(* ===== verification/_CoqProject ===== *)
-Q . S2P
Prelude.v
Budget.v
IoBuffer.v
Pipe.v
PipeEnds.v
PipeTable.v
Mmap.v
PreparedMap.v
Lock.v
Fd.v
OfdRefs.v
Ofd.v
OfdInv.v
Descriptors.v
DescInv.v
DescThms.v
OfdLocks.v
Bindings.v
BindInv.v
BindThms.v
Socket.v
SocketThms.v
Backlog.v
BacklogThms.v
Names.v
NamesThms.v
FifoTable.v
FifoThms.v
UnixRegistry.v
UnixThms.v
InetBind.v
InetThms.v
PortMachine.v
Credentials.v
Path.v
NameTree.v
Tmpfs.v
TmpfsInv.v
TmpfsSteps.v
TmpfsOps.v
TmpfsMove.v
TmpfsTree.v
TmpfsData.v
TmpfsOpen.v
TmpfsRun.v
TmpfsAlong.v
TmpfsQuota.v
TmpfsHeld.v
TmpfsList.v
TmpfsThms.v
Mqueue.v
Ipc.v
Pshared.v
Terminal.v
Pty.v
Signal.v
WaitQueue.v
ProcSignal.v
WaitPark.v
BlockedRetry.v
RetryPins.v
RetryInv.v
RetryThms.v
Accept.v
AcceptThms.v
ReadCache.v
ReadCacheThms.v
FsChanges.v
OverlayActivation.v
OverlayPolicy.v
OverlayThms.v
OverlaySeal.v
SealThms.v
StorageDigest.v
DigestThms.v
