(* ===== verification/Prelude.v ===== *)
(** * Kandelo runtime core: verification library

    Kandelo is a POSIX kernel written in Rust and compiled to wasm32. Guest
    programs run in their own WebAssembly instances and pass system calls
    through a channel; the kernel module ([crates/kernel]) unpacks a call and
    hands it to the runtime core ([crates/runtime-core]), whose
    [syscalls.rs] dispatches to one file per component. A component is a table
    or a small structure with methods; the kernel serialises system calls, so
    each method is one atomic step and a blocking call is a step that answers
    EAGAIN, parks the caller outside of the component and is tried again after
    a wakeup. This library models the components from their sources and proves
    what the rest of the kernel relies on.

    ** Files

    Sources are under [crates/runtime-core/src]. A file without one holds the
    invariant, the lemmas or the theorems of the files before it.

    Memory and containers:
    - [Prelude]: errno values ([crates/shared/src/lib.rs]), machine integers,
      the result type and the state-and-panic monad [op], list routines of the
      Rust library, sums over finite maps, the tactics and the hint database.
    - [Budget]: [metadata_budget.rs], byte budgets with owned reservations.
    - [IoBuffer]: [io_buffer.rs], vectors whose growth must be admitted.
    - [PreparedMap]: [prepared_map.rs], the AVL map with prepared entries and
      the fixed-stack iterators.
    - [Mmap]: [MemoryManager] of [memory.rs], [sys_mremap], and the memory
      section of a forked process ([fork.rs]).

    Descriptors and what they lead to:
    - [Lock]: [lock.rs], advisory record locks (fcntl, OFD and flock).
    - [Fd]: [fd.rs], descriptor tables; uses [IoBuffer] for its extra slots.
    - [OfdRefs], [Ofd], [OfdInv]: [ofd.rs], references held outside of
      descriptor tables, open file descriptions with their shared cells, and
      the invariant of the cells.
    - [Descriptors], [DescInv], [DescThms]: prepared descriptors, dup, dup2,
      close and the tables of a spawned child ([process.rs], [syscalls.rs],
      [process_table.rs]) over [Fd] and [Ofd]; the machine of all processes.
    - [OfdLocks]: the locks of descriptions that are gone ([process_table.rs])
      over [Lock] and [OfdRefs].
    - [Pipe], [PipeTable]: [pipe.rs], the pipe buffer with its ends, FIFO opens
      and descriptor batches, the pipe arms of read and write, the table;
      [PipeEnds] keeps a ledger of the references to the ends.
    - [Terminal], [Pty]: [terminal.rs], [pty.rs] and the attribute change of
      [sys_tcsetattr].

    Sockets:
    - [Bindings], [BindInv], [BindThms]: the four port tables of [socket.rs].
    - [Socket], [SocketThms]: sockets, the socket table, host connections.
    - [Backlog], [BacklogThms]: the shared accept queues, over [PipeTable].
    - [Names], [NamesThms]: ordered maps of paths and the prepared rename of a
      subtree, shared by the next two.
    - [FifoTable], [FifoThms]: [fifo.rs]. [UnixRegistry], [UnixThms]:
      [unix_socket.rs].
    - [InetBind], [InetThms], [PortMachine]: bind for Internet sockets, the
      search for a port and the socket arm of the last close ([syscalls.rs]),
      over all of these; the machine of all processes.

    Names and files:
    - [Credentials]: [credentials.rs]. [Path]: [path.rs].
    - [Tmpfs]: [tmpfs.rs], the in-memory file system with its extended
      attributes, quotas and listings. [NameTree] is the theory of its
      directories; [TmpfsInv], [TmpfsSteps], [TmpfsOps], [TmpfsMove],
      [TmpfsTree], [TmpfsData], [TmpfsOpen] prove the invariant per operation,
      [TmpfsRun] the runs; [TmpfsAlong] lifts a relation from the steps to
      every call, for [TmpfsQuota], the byte limits, and [TmpfsHeld], open
      files, in any history; [TmpfsList] the listings, [TmpfsThms] the theorems.

    Communication and waiting:
    - [Mqueue]: [mqueue.rs]. [Ipc]: [ipc.rs]. [Pshared]: [pshared.rs].
    - [Signal]: [signal.rs], dispositions, masks and pending instances.
    - [ProcSignal]: the signal methods of [process.rs], [sys_sigaction] and
      [sys_signal].
    - [WaitQueue]: [wait_queue.rs]. [WaitPark]: [wait_park.rs] with the
      decisions of [wait_retry.rs], [wait_signal.rs] and [wait_child.rs], over
      [WaitQueue] and [ProcSignal].
    - [BlockedRetry], [RetryPins], [RetryInv], [RetryThms]: [blocked_retry.rs]
      and the calls of [syscalls.rs] that pin the object a blocked call waits
      on, find it again and give it back, over [Descriptors], [Mqueue] and
      [Ipc]; the machine of all processes with their blocked calls.
    - [Accept], [AcceptThms]: accept ([syscalls.rs]), over [Descriptors],
      [Socket], [Backlog] and [BlockedRetry].

    Storage of the root file system:
    - [ReadCache], [ReadCacheThms]: [verified_read_cache.rs], file chunks kept
      after their digests were checked; uses [IoBuffer].
    - [FsChanges]: [fs_changes.rs], the queue of change hints; uses [Path].
    - [OverlayActivation], [OverlayPolicy], [OverlayThms]:
      [overlay_activation.rs], [overlay_generation_policy.rs], which generation
      of an overlay is active and which storage may be reused.
    - [OverlaySeal], [SealThms]: [overlay_seal.rs], headers of sealed
      generations.
    - [StorageDigest], [DigestThms]: [storage_digest.rs], digests made in
      pieces.

    ** How the code is modelled

    - A struct is a [Record], an enum an [Inductive] type with the source's
      constructors. A method taking [&mut self] is a function that returns the
      new state and the result; [Result<T, Errno>] is [result]. An early return
      with [?] is the notation [let? x := m in k] (or [let? ... orelse state]).
    - Where the source can panic ([expect], [assert!], an index out of range,
      the overflow of a plain operator) the method lives in the monad [op],
      whose [None] is the panic; [do! x <- m; k] sequences. Theorems that a
      method is safe state that it is not [None].
    - Integers are [Z]; each [checked_], [saturating_] and [wrapping_] operation
      and each cast is written out at the width of the source ([usize] is 32
      bits, as on wasm32).
    - A [BTreeMap] or a [PreparedMap] used by another component is a [gmap], or
      the list of its entries in the order of their keys where the code iterates;
      [PreparedMap.prepared_map_refines_gmap] and
      [PreparedMap.prepared_map_iteration] are what justifies it.
    - A trait is a class: [HasBindingOwners] and [PortTable] of [Bindings], of
      which the four port tables are instances, so that the proofs are made
      once.
    - The allocator is an argument: a function from the request to the capacity
      granted, or a list of outcomes; no theorem assumes that it succeeds unless
      it says so. The clock is an argument; what the host answers is an
      argument, and the calls made to it and the wakeups are recorded events.
    - The SHA-256 library is a parameter: a digest function, or the compression
      of one block where the code calls that; only the sizes of their results
      are assumed. The conversion of an integer to floating point is computed
      on its bits.
    - Reference-counted cells are a heap with counts ([Ofd]), so that sharing
      between descriptors and processes is what the theorems speak of.
    - A component that the program drives through many calls gets a type of
      calls and a run, or a step relation, and its invariant is proved by
      induction from the initial state.

    ** What is proved

    - Invariants of every reachable state: [Ipc.ipc_invariant],
      [Mqueue.mqueue_invariant], [Lock.reachable_locks_canonical],
      [Fd.fd_table_safe], [Budget.budget_accounting_exact],
      [Signal.pending_signals_exact], [Pshared.pshared_invariant],
      [Terminal.partial_line_invariant], [PipeEnds.pipe_invariant],
      [PipeTable.pipe_table_invariant], [Mmap.address_space_invariant],
      [TmpfsThms.tmpfs_names_and_inodes], [WaitQueue.every_wait_ends_once],
      [WaitPark.every_park_is_decided_once], [BindThms.ports_exclusive],
      [BacklogThms.connections_accepted_once],
      [UnixThms.names_lead_to_open_sockets],
      [RetryThms.pins_are_blocked_calls].
    - Composition: [DescThms.descriptors_exact] ties descriptor tables,
      descriptions and cells of all processes together,
      [DescThms.one_open_file_description] says what sharing means,
      [PortMachine.bound_ports_exact] ties the port tables to the sockets of
      all processes (with a ghost that numbers the sockets in the order of
      their creation, so that copies can be told from other sockets), [OfdLocks.orphaned_locks_released] the locks to the
      descriptions, [WaitPark.signals_never_strand_a_park] the parks to the
      signals (but for a disposition that lets a pending signal through, which
      [WaitPark.handler_strands_a_park] evaluates), [RetryThms.pins_are_blocked_calls] the references of
      descriptions, message queues and System V objects to the blocked calls,
      [AcceptThms.accept_loses_no_connection] the accept queues to the sockets
      and descriptors.
    - Refinement of an abstract specification: a record lock table is a map
      from bytes to lock types per owner ([Lock.set_lock_refines_byte_map]), the
      AVL map is a finite map ([PreparedMap.prepared_map_refines_gmap]), an
      address space is a map from bytes to protections
      ([Mmap.mmap_refines_byte_map], [Mmap.munmap_refines_byte_map]), the
      in-memory file system is a map from paths to inodes
      ([TmpfsThms.tmpfs_refines_namespace]), the references of messages are
      counts ([OfdRefs.in_flight_refines_counts]).
    - Safety across arbitrary later calls: exclusive locks and mutexes, pins
      that outlive close, unlink and identifier reuse, blocked calls that reach
      what they selected ([RetryThms.blocked_call_keeps_its_description]), files that outlive their
      names, ports and names held until they are released, host handles and
      connections closed by their last owner, credentials that cannot be
      regained, pipe bytes and terminal input that are never lost, reads that
      return only bytes whose digest was checked
      ([ReadCacheThms.reads_are_verified]), storage in use that is never given
      away ([OverlayThms.used_storage_is_kept]), the newest activation that is
      selected ([OverlayThms.newest_activation_selected]).
    - Functional behaviour with every error branch: lowest free descriptor,
      dup2, priority order, message selection, semaphore operations, signal
      order, admission of reservations, editing of a line, path rendering,
      renames of subtrees ([FifoThms.fifo_names_exact]), inheritance of sockets.
    - Equivalence with a reference: [ProcSignal.signal_targets_task_iff],
      [BindThms.datagram_targets_exact],
      [DigestThms.pieces_digest_the_message]. Round trips:
      [OverlayThms.activation_records_roundtrip], [SealThms.seals_roundtrip],
      [FsChanges.drained_records_read_back],
      [TmpfsThms.listing_is_exact], [PortMachine.sockaddr_roundtrip],
      [SocketThms.socket_handle_decodes], [Mmap.fork_restores_memory].
    - Bounds: [TmpfsThms.tmpfs_quota], [Pipe.pipe_stream_fifo].
    - No lost wakeups: [Lock.set_lock_reports_unblock],
      [Pshared.cond_wakeup_not_lost], [Pty.pty_readiness_is_announced],
      [Pipe.blocked_pipe_calls_are_woken], [ProcSignal.no_signal_wakeup_is_lost],
      [FsChanges.no_change_is_missed].
    - Behaviour the code has and its comments do not announce, evaluated on a
      concrete state: [Ipc.semop_repeated_decrement_wraps],
      [Pshared.barrier_reentry_passes_alone],
      [Pshared.failed_wait_releases_mutex], [Terminal.flush_keeps_pending_eof],
      [Pty.signal_echo_not_notified], [DescThms.failed_dup2_closes_newfd],
      [TmpfsThms.rename_over_hard_link_dangles],
      [TmpfsThms.offset_wraps_at_4_gib],
      [TmpfsThms.refused_growth_stays_charged],
      [WaitQueue.overflowing_timeout_keeps_its_generation],
      [Mmap.mremap_of_unmapped_range], [PortMachine.port_zero_is_refused],
      [WaitPark.handler_strands_a_park].

    ** Fuel and bounds

    Loops over a finite collection recurse on it. The others have fuel, with a
    lemma that it is enough:
    - the coalescing loop of [Lock.set_lock]: the number of records plus one;
      every pass that changes the range absorbs one more record
      ([Lock.coalesce_loop_fix]); the doubling of a capacity gets as much as the
      target needs ([Lock.grow_target_enough]);
    - the searches for a free identifier ([scan_free], [Ipc.scan_id]): one step
      more than there are identifiers in use ([scan_free_spec],
      [Ipc.next_free_id_complete]);
    - the loop over the bits of the shared signals: 65 for 64 bits
      ([ProcSignal.shared_targets_spec]);
    - the stack of directories of [Tmpfs.remove_tree]: the number of inode
      slots ([TmpfsThms.remove_tree_terminates]);
    - the reader of directory records: the bytes written
      ([TmpfsThms.listing_is_exact]);
    - the iterator over the targets of a datagram: their number
      ([BindThms.datagram_targets_exact]);
    - the search for an ephemeral port: the 16384 ports there are
      ([InetThms.ephemeral_search_complete]);
    - the eviction loops of [ReadCache]: the entries there are to evict, plus
      one ([ReadCacheThms.reads_are_verified] says that no call is [None]).

    The iterators of [PreparedMap] have a stack of [ITERATOR_DEPTH] entries; a
    balanced tree of [usize::MAX] entries is not deeper. Identities of open file
    descriptions are below 2^64, inode slots below [Tmpfs.SLAB_MAX]. The
    theorems on the names of the in-memory file system
    ([TmpfsThms.tmpfs_refines_namespace], [TmpfsThms.tmpfs_names_and_inodes])
    speak of runs without a rename that replaces a file with other names, which
    the code gets wrong ([TmpfsThms.rename_over_hard_link_dangles]); such runs
    have normalized paths and add references to open files only
    ([TmpfsRun.allowed]). Its quotas and open files are treated in any history.

    ** Not modelled

    - The dispatch in [syscalls.rs] and most of its calls, the host callbacks
      and the channel: I/O around the components. Of the socket calls only
      bind, for Internet sockets, accept and the last close are modelled;
      [bind_unix] stands for the arm of bind that works on the file system.
    - Of modelled sources: the shared file mappings of [memory.rs]
      ([SharedMappingTable]), which page host files; the references on other
      kernel objects that descriptors in transit carry (InFlightFd); the
      retained directory entries and extended attribute system calls.
    - The bodies of the calls that are run again after a wakeup, the wakeup
      buffer ([wakeup.rs]), epoll and the descriptor backings: they dispatch
      over all components. Of a blocked call the binding is modelled; the
      descriptors a blocked sendmsg carries are a parameter of it.
    - The process table, fork serialisation and exec: they copy the state of
      every component; what they do to the modelled ones is modelled there.
    - The layered root file system, the journal and index of an overlay, its
      recovery and the image formats: storage over bytes the host provides,
      larger than everything above together. Of the overlays the records that
      decide what is active, valid and reusable are modelled.
    - Devices, network interfaces, codecs, fork instrumentation, the compiler
      driver and the TypeScript host: outside of the kernel's own state. *)

From stdpp Require Export base option list list_numbers numbers gmap sorting.
From Stdlib Require Export ZArith Lia.

(** ** Automation of the library

    [kandelo] collects the lemmas that close the common side conditions
    ([auto with kandelo]); the rewrite database of the same name simplifies
    list lengths. *)
Create HintDb kandelo.
Create Rewrite HintDb kandelo.

#[global] Open Scope Z_scope.

(** ** errno values (crates/shared/src/lib.rs, [enum Errno]) *)
Inductive Errno : Type :=
  | EPERM | ENOENT | ESRCH | EINTR | EIO | ENXIO | E2BIG | ENOEXEC | EBADF
  | ECHILD | EAGAIN | ENOMEM | EACCES | EFAULT | EBUSY | EEXIST | EXDEV
  | ENODEV | ENOTDIR | EISDIR | EINVAL | ENFILE | EMFILE | ENOTTY | ETXTBSY
  | EFBIG | ENOSPC | ESPIPE | EROFS | EMLINK | EPIPE | EDOM | ERANGE
  | EDEADLK | ENAMETOOLONG | ENOLCK | ENOSYS | ENOTEMPTY | ELOOP | ENOMSG
  | EIDRM | ENODATA | EPROTO | EOVERFLOW | EBADFD | ENOTSOCK | EDESTADDRREQ
  | EMSGSIZE | EPROTOTYPE | ENOPROTOOPT | EPROTONOSUPPORT | EOPNOTSUPP
  | EAFNOSUPPORT | EADDRINUSE | EADDRNOTAVAIL | ENETUNREACH | ECONNABORTED
  | ECONNRESET | ENOBUFS | ECONNREFUSED | EISCONN | ENOTCONN | ESHUTDOWN
  | ETIMEDOUT | EHOSTUNREACH | EALREADY | EINPROGRESS.

#[global] Instance Errno_eq_dec : EqDecision Errno.
Proof. solve_decision. Defined.

(** The [#[repr(u32)]] discriminant of an errno, the value of [error as u32]. *)
Definition errno_code (e : Errno) : Z :=
  match e with
  | EPERM => 1 | ENOENT => 2 | ESRCH => 3 | EINTR => 4 | EIO => 5 | ENXIO => 6
  | E2BIG => 7 | ENOEXEC => 8 | EBADF => 9 | ECHILD => 10 | EAGAIN => 11
  | ENOMEM => 12 | EACCES => 13 | EFAULT => 14 | EBUSY => 16 | EEXIST => 17
  | EXDEV => 18 | ENODEV => 19 | ENOTDIR => 20 | EISDIR => 21 | EINVAL => 22
  | ENFILE => 23 | EMFILE => 24 | ENOTTY => 25 | ETXTBSY => 26 | EFBIG => 27
  | ENOSPC => 28 | ESPIPE => 29 | EROFS => 30 | EMLINK => 31 | EPIPE => 32
  | EDOM => 33 | ERANGE => 34 | EDEADLK => 35 | ENAMETOOLONG => 36
  | ENOLCK => 37 | ENOSYS => 38 | ENOTEMPTY => 39 | ELOOP => 40 | ENOMSG => 42
  | EIDRM => 43 | ENODATA => 61 | EPROTO => 71 | EOVERFLOW => 75
  | EBADFD => 77 | ENOTSOCK => 88 | EDESTADDRREQ => 89 | EMSGSIZE => 90
  | EPROTOTYPE => 91 | ENOPROTOOPT => 92 | EPROTONOSUPPORT => 93
  | EOPNOTSUPP => 95 | EAFNOSUPPORT => 97 | EADDRINUSE => 98
  | EADDRNOTAVAIL => 99 | ENETUNREACH => 101 | ECONNABORTED => 103
  | ECONNRESET => 104 | ENOBUFS => 105 | ECONNREFUSED => 111 | EISCONN => 106
  | ENOTCONN => 107 | ESHUTDOWN => 108 | ETIMEDOUT => 110
  | EHOSTUNREACH => 113 | EALREADY => 114 | EINPROGRESS => 115
  end.

(** [Errno::from_u32]: the errno of a raw value, if it names one. *)
Definition errno_from_u32 (val : Z) : option Errno :=
  match val with
  | 1 => Some EPERM | 2 => Some ENOENT | 3 => Some ESRCH | 4 => Some EINTR
  | 5 => Some EIO | 6 => Some ENXIO | 7 => Some E2BIG | 8 => Some ENOEXEC
  | 9 => Some EBADF | 10 => Some ECHILD | 11 => Some EAGAIN
  | 12 => Some ENOMEM | 13 => Some EACCES | 14 => Some EFAULT
  | 16 => Some EBUSY | 17 => Some EEXIST | 18 => Some EXDEV
  | 19 => Some ENODEV | 20 => Some ENOTDIR | 21 => Some EISDIR
  | 22 => Some EINVAL | 23 => Some ENFILE | 24 => Some EMFILE
  | 25 => Some ENOTTY | 26 => Some ETXTBSY | 27 => Some EFBIG
  | 28 => Some ENOSPC | 29 => Some ESPIPE | 30 => Some EROFS
  | 31 => Some EMLINK | 32 => Some EPIPE | 33 => Some EDOM
  | 34 => Some ERANGE | 35 => Some EDEADLK | 36 => Some ENAMETOOLONG
  | 37 => Some ENOLCK | 38 => Some ENOSYS | 39 => Some ENOTEMPTY
  | 40 => Some ELOOP | 42 => Some ENOMSG | 43 => Some EIDRM
  | 61 => Some ENODATA | 71 => Some EPROTO | 75 => Some EOVERFLOW
  | 77 => Some EBADFD | 88 => Some ENOTSOCK | 89 => Some EDESTADDRREQ
  | 90 => Some EMSGSIZE | 91 => Some EPROTOTYPE | 92 => Some ENOPROTOOPT
  | 93 => Some EPROTONOSUPPORT | 95 => Some EOPNOTSUPP
  | 97 => Some EAFNOSUPPORT | 98 => Some EADDRINUSE
  | 99 => Some EADDRNOTAVAIL | 101 => Some ENETUNREACH
  | 103 => Some ECONNABORTED | 104 => Some ECONNRESET | 105 => Some ENOBUFS
  | 106 => Some EISCONN | 111 => Some ECONNREFUSED | 107 => Some ENOTCONN
  | 108 => Some ESHUTDOWN | 110 => Some ETIMEDOUT | 113 => Some EHOSTUNREACH
  | 114 => Some EALREADY | 115 => Some EINPROGRESS
  | _ => None
  end.

(** ** Results

    [Result<A, Errno>]. A method that takes [&mut self] is modelled as a
    function that returns the new state beside the result, so that what the
    code has already written when it takes an early [return Err(..)] is part
    of the model. *)
Inductive result (A : Type) : Type :=
  | Ok (a : A)
  | Err (e : Errno).
Arguments Ok {A} a.
Arguments Err {A} e.

#[global] Instance result_eq_dec `{EqDecision A} : EqDecision (result A).
Proof. solve_decision. Defined.

(** [Option::ok_or]. *)
Definition ok_or {A} (o : option A) (e : Errno) : result A :=
  match o with Some a => Ok a | None => Err e end.

(** [Result::is_ok], as a bool. *)
Definition is_ok {A} (r : result A) : bool :=
  match r with Ok _ => true | Err _ => false end.

Declare Scope result_scope.
Delimit Scope result_scope with result.

(** [let? x := e in k] is [let x = e?; k] in a function with no state. *)
Notation "'let?' x := e 'in' k" :=
  (match e with Ok x => k | Err er => Err er end)
  (at level 10, x pattern, e at level 200, k at level 200,
   format "'[v' 'let?'  x  :=  e  'in' '/' k ']'") : result_scope.

(** [let? x := e 'orelse' s in k] is [let x = e?; k] in a method whose state
    is [s] when the early return is taken. *)
Notation "'let?' x := e 'orelse' s 'in' k" :=
  (match e with Ok x => k | Err er => (s, Err er) end)
  (at level 10, x pattern, e at level 200, s at level 200, k at level 200,
   format "'[v' 'let?'  x  :=  e  'orelse'  s  'in' '/' k ']'") : result_scope.

#[global] Open Scope result_scope.

(** ** Machine integers

    A [w]-bit integer is the [Z] it denotes; wrapping, checking and
    saturation are written out where the source has them. *)
Definition u8_max : Z := 255.
Definition u16_max : Z := 65535.
Definition u32_max : Z := 4294967295.
Definition i32_max : Z := 2147483647.
Definition u64_max : Z := 18446744073709551615.
Definition i64_max : Z := 9223372036854775807.
Definition i64_min : Z := -9223372036854775808.

(** [a.checked_add(b)] of an unsigned type with largest value [max]. *)
Definition checked_add (max a b : Z) : option Z :=
  if a + b <=? max then Some (a + b) else None.

(** [a.checked_sub(b)] of an unsigned type. *)
Definition checked_sub (a b : Z) : option Z :=
  if b <=? a then Some (a - b) else None.

(** [a.checked_add(b)] of [i64]. *)
Definition checked_add_i64 (a b : Z) : option Z :=
  if (i64_min <=? a + b) && (a + b <=? i64_max) then Some (a + b) else None.

(** [a.saturating_sub(b)] and [a.saturating_add(b)] of an unsigned type. *)
Definition saturating_sub (a b : Z) : Z := Z.max 0 (a - b).
Definition saturating_add (max a b : Z) : Z := Z.min max (a + b).

(** [a.wrapping_add(b)] of a [w]-bit unsigned type. *)
Definition wrapping_add (w a b : Z) : Z := (a + b) mod 2 ^ w.

(** [x as i32] of an unsigned 32-bit [x], [x as u16] of an [i32] [x]. *)
Definition as_i32 (x : Z) : Z :=
  if x mod 2 ^ 32 <=? i32_max then x mod 2 ^ 32 else x mod 2 ^ 32 - 2 ^ 32.
Definition as_u32 (x : Z) : Z := x mod 2 ^ 32.
Definition as_u16 (x : Z) : Z := x mod 2 ^ 16.

(** [flags & bit != 0]. *)
Definition has_flag (flags bit : Z) : bool := negb (Z.land flags bit =? 0).

Abbreviation lenZ l := (Z.of_nat (length l)).

(** ** Sequences

    [Vec], [VecDeque], [IoBuffer] and [IoDeque] are lists. *)

(** [iter().position(p)]. *)
Fixpoint position {A} (p : A -> bool) (l : list A) : option nat :=
  match l with
  | [] => None
  | x :: l' => if p x then Some 0%nat else option_map S (position p l')
  end.

(** [v.remove(i)] and [v.insert(i, x)] at an index in range. *)
Definition remove_at {A} (i : nat) (l : list A) : list A :=
  take i l ++ drop (S i) l.
Definition insert_at {A} (i : nat) (x : A) (l : list A) : list A :=
  take i l ++ x :: drop i l.

(** [slice.partition_point(p)] of a slice partitioned by [p]: the length of
    its longest prefix that satisfies [p]. *)
Fixpoint partition_point {A} (p : A -> bool) (l : list A) : nat :=
  match l with
  | [] => 0
  | x :: l' => if p x then S (partition_point p l') else 0
  end.

(** [Vec::swap_remove]. *)
Definition swap_remove {A} (i : nat) (l : list A) : list A :=
  match last l with
  | Some x => take (length l - 1) (<[i := x]> l)
  | None => l
  end.

Lemma swap_remove_perm {A} i (l : list A) x : l !! i = Some x -> l ≡ₚ x :: swap_remove i l.
Proof.
  intros Hx. unfold swap_remove. destruct l as [|y l0 _] using rev_ind; [done|]. rewrite last_snoc, length_app. cbn [length].
  replace (length l0 + 1 - 1)%nat with (length l0) by lia.
  destruct (Nat.lt_ge_cases i (length l0)) as [Hlt|Hge].
  - rewrite lookup_app_l in Hx by done. rewrite insert_app_l by done. rewrite take_app_length' by (by rewrite length_insert).
    rewrite insert_take_drop by done. rewrite <- (take_drop_middle l0 i x Hx) at 1.
    rewrite <- app_assoc. cbn [app]. rewrite <- !Permutation_middle. constructor.
    by rewrite app_nil_r.
  - apply lookup_lt_Some in Hx as Hl. rewrite length_app in Hl. cbn in Hl. assert (i = length l0) as -> by lia.
    rewrite lookup_app_r, Nat.sub_diag in Hx by lia. cbn in Hx. simplify_eq.
    rewrite insert_app_r_alt, take_app_length by lia. by rewrite <- Permutation_cons_append.
Qed.

(** Every element satisfies the boolean predicate, as a proposition. *)
Definition All {A} (p : A -> bool) (l : list A) : Prop :=
  forall x, In x l -> p x = true.

Lemma filter_none {A} (p : A -> bool) l : (forall x, In x l -> p x = false) -> List.filter p l = [].
Proof. induction l as [|x l IH]; simpl; [done|]. intros Hl. rewrite Hl by auto. auto. Qed.

Lemma position_Some {A} (p : A -> bool) l i :
  position p l = Some i ->
  exists x, l !! i = Some x /\ p x = true /\ forallb (fun y => negb (p y)) (take i l) = true.
Proof.
  revert i; induction l as [|y l IH]; intros i; simpl; [done|].
  destruct (p y) eqn:Hy; [intros [= <-]; exists y; by repeat split|].
  destruct (position p l) as [j|]; [|done]; intros [= <-].
  destruct (IH j eq_refl) as (x & ? & ? & ?); exists x; simpl; rewrite Hy; auto.
Qed.

Lemma position_first {A} (p : A -> bool) l i : position p l = Some i ->
  (exists x, l !! i = Some x /\ p x = true) /\ forall j y, (j < i)%nat -> l !! j = Some y -> p y = false.
Proof.
  intros (x & Hx & Hp & Hf)%position_Some. split; [by exists x|]. intros j y Hj Hy.
  rewrite forallb_forall in Hf. apply negb_true_iff, Hf. apply list_elem_of_In, (list_elem_of_lookup_2 _ j).
  by rewrite lookup_take_lt.
Qed.

Lemma position_None {A} (p : A -> bool) l :
  position p l = None <-> forall x, In x l -> p x = false.
Proof.
  induction l as [|y l IH]; simpl; [tauto|].
  destruct (p y) eqn:Hy; split.
  - done.
  - intros H. rewrite (H y) in Hy by auto. discriminate.
  - destruct (position p l); [done|]. intros _ x [<-|Hx]; [done|]. by apply IH.
  - intros H. rewrite (proj2 IH); auto.
Qed.

Lemma in_remove_at {A} i (l : list A) x : In x (remove_at i l) -> In x l.
Proof.
  unfold remove_at. rewrite in_app_iff. intros [H|H].
  - rewrite <- (take_drop i l). apply in_app_iff. auto.
  - rewrite <- (take_drop (S i) l). apply in_app_iff. auto.
Qed.

Lemma remove_at_split {A} i (l : list A) x :
  l !! i = Some x -> l = take i l ++ x :: drop (S i) l /\ length (take i l) = i.
Proof.
  intros H. split; [by rewrite take_drop_middle|].
  apply lookup_lt_Some in H. rewrite length_take. lia.
Qed.

Lemma length_insert_at {A} i x (l : list A) : length (insert_at i x l) = S (length l).
Proof.
  unfold insert_at. rewrite length_app. simpl. rewrite length_take, length_drop. lia.
Qed.

Lemma in_insert_at {A} i x y (l : list A) : In y (insert_at i x l) <-> y = x \/ In y l.
Proof.
  unfold insert_at. rewrite in_app_iff. simpl.
  assert (In y l <-> In y (take i l) \/ In y (drop i l)) as ->
    by (rewrite <- in_app_iff, take_drop; done).
  intuition congruence.
Qed.

Lemma partition_point_le {A} (p : A -> bool) l : (partition_point p l <= length l)%nat.
Proof. induction l as [|x l IH]; simpl; [lia|]. destruct (p x); simpl; lia. Qed.

#[export] Hint Resolve in_eq in_cons in_or_app partition_point_le : kandelo.
#[export] Hint Rewrite @length_app @length_take @length_drop @length_insert_at : kandelo.

(** Solve a side condition on lengths. *)
Ltac solve_len := autorewrite with kandelo in *; simpl in *; lia.

(** Split every [if] and [match] of the goal and the context, dropping the
    impossible branches. *)
Ltac split_ifs :=
  repeat match goal with
  | H : context [if ?b then _ else _] |- _ => destruct b eqn:?; try discriminate
  | |- context [if ?b then _ else _] => destruct b eqn:?; try discriminate
  end.

(** Turn boolean tests in the context and the goal into propositions. *)
Ltac to_prop :=
  repeat match goal with
  | H : _ && _ = true |- _ => apply andb_true_iff in H; destruct H
  | H : _ && _ = false |- _ => apply andb_false_iff in H
  | H : _ || _ = true |- _ => apply orb_true_iff in H
  | H : _ || _ = false |- _ => apply orb_false_iff in H; destruct H
  | H : negb _ = true |- _ => apply negb_true_iff in H
  | H : negb _ = false |- _ => apply negb_false_iff in H
  | H : bool_decide _ = true |- _ => apply bool_decide_eq_true in H
  | H : bool_decide _ = false |- _ => apply bool_decide_eq_false in H
  | H : (_ =? _) = true |- _ => apply Z.eqb_eq in H
  | H : (_ =? _) = false |- _ => apply Z.eqb_neq in H
  | H : (_ <? _) = true |- _ => apply Z.ltb_lt in H
  | H : (_ <? _) = false |- _ => apply Z.ltb_ge in H
  | H : (_ <=? _) = true |- _ => apply Z.leb_le in H
  | H : (_ <=? _) = false |- _ => apply Z.leb_gt in H
  end.

(** The kernel is built for wasm32: [usize] is 32 bits wide. *)
Definition usize_max : Z := u32_max.

(** [a.checked_mul(b)] and [a.saturating_mul(b)] of an unsigned type. *)
Definition checked_mul (max a b : Z) : option Z :=
  if a * b <=? max then Some (a * b) else None.
Definition saturating_mul (max a b : Z) : Z := Z.min max (a * b).

(** ** Methods that can panic

    [op S A] is a method with [&mut self] of type [S] that returns a
    [Result<A, Errno>]: the new state beside the result, or [None] when an
    [assert!], an [unwrap] or an index out of bounds panics. *)
Definition op (S A : Type) : Type := S -> option (S * result A).

Section Op.
Context {S : Type}.

Definition op_ret {A} (a : A) : op S A := fun s => Some (s, Ok a).
Definition op_err {A} (e : Errno) : op S A := fun s => Some (s, Err e).
Definition op_panic {A} : op S A := fun _ => None.

(** [m?] followed by the rest of the method. *)
Definition op_bind {A B} (m : op S A) (k : A -> op S B) : op S B := fun s =>
  match m s with
  | None => None
  | Some (s', Ok a) => k a s'
  | Some (s', Err e) => Some (s', Err e)
  end.

(** [match m { Ok(a) => k a, Err(e) => h e }]. *)
Definition op_match {A B} (m : op S A) (k : A -> op S B) (h : Errno -> op S B) : op S B :=
  fun s => match m s with
           | None => None
           | Some (s', Ok a) => k a s'
           | Some (s', Err e) => h e s'
           end.

Definition op_get {A} (f : S -> A) : op S A := fun s => Some (s, Ok (f s)).
Definition op_modify (f : S -> S) : op S unit := fun s => Some (f s, Ok tt).
Definition op_lift {A} (r : result A) : op S A := fun s => Some (s, r).
(** A value the source unwraps or indexes: [None] panics. *)
Definition op_some {A} (o : option A) : op S A := fun s =>
  match o with Some a => Some (s, Ok a) | None => None end.
Definition op_assert (b : S -> bool) : op S unit := fun s => if b s then Some (s, Ok tt) else None.

(** Total correctness: from a state of [P] the method does not panic and
    ends in [Q]. *)
Definition triple {A} (P : S -> Prop) (m : op S A) (Q : S -> result A -> Prop) : Prop :=
  forall s, P s -> exists s' r, m s = Some (s', r) /\ Q s' r.

Lemma triple_run {A} (P : S -> Prop) (m : op S A) Q s s' r :
  triple P m Q -> P s -> m s = Some (s', r) -> Q s' r.
Proof. intros H Hs E. destruct (H s Hs) as (? & ? & E' & ?). congruence. Qed.

Lemma triple_no_panic {A} (P : S -> Prop) (m : op S A) Q s :
  triple P m Q -> P s -> m s <> None.
Proof. intros H Hs. destruct (H s Hs) as (? & ? & E & _). congruence. Qed.

Lemma triple_bind {A B} (P : S -> Prop) (m : op S A) (k : A -> op S B) Q R :
  triple P m R -> (forall a, triple (fun s => R s (Ok a)) (k a) Q) ->
  (forall s e, R s (Err e) -> Q s (Err e)) -> triple P (op_bind m k) Q.
Proof.
  intros Hm Hk He s Hs. unfold op_bind. destruct (Hm s Hs) as (s' & [a|e] & -> & HR); eauto.
  apply Hk, HR.
Qed.

Lemma triple_pure {A} (P : Prop) (P' : S -> Prop) (m : op S A) Q :
  (P -> triple P' m Q) -> triple (fun s => P /\ P' s) m Q.
Proof. intros H s [HP Hs]. by apply H. Qed.

Lemma triple_conseq {A} (P P' : S -> Prop) (m : op S A) (Q Q' : S -> result A -> Prop) :
  triple P m Q -> (forall s, P' s -> P s) -> (forall s r, Q s r -> Q' s r) -> triple P' m Q'.
Proof. intros H H1 H2 s Hs. destruct (H s (H1 s Hs)) as (s' & r & E & HQ). eauto. Qed.

(** Weakest precondition at one state: the method ends in [Q], or panics
    and [P] holds. *)
Definition wp {A} (m : op S A) (s : S) (P : Prop) (Q : S -> result A -> Prop) : Prop :=
  match m s with Some (s', r) => Q s' r | None => P end.

Lemma wp_bind {A B} (m : op S A) (k : A -> op S B) s P Q :
  wp m s P (fun s' r => match r with Ok a => wp (k a) s' P Q | Err e => Q s' (Err e) end) ->
  wp (op_bind m k) s P Q.
Proof. unfold wp, op_bind. by destruct (m s) as [[s' [a|e]]|]. Qed.

Lemma wp_mono {A} (m : op S A) s (P P' : Prop) (Q Q' : S -> result A -> Prop) :
  wp m s P Q -> (P -> P') -> (forall s' r, Q s' r -> Q' s' r) -> wp m s P' Q'.
Proof. unfold wp. destruct (m s) as [[s' r]|]; auto. Qed.

Lemma wp_run {A} (m : op S A) s P Q s' r : wp m s P Q -> m s = Some (s', r) -> Q s' r.
Proof. unfold wp. by intros H E; rewrite E in H. Qed.

Lemma wp_no_panic {A} (m : op S A) s P Q : wp m s P Q -> ~ P -> m s <> None.
Proof. unfold wp. by destruct (m s) as [[s' r]|]. Qed.
End Op.

(** Either a checked operation yields the exact result or it is out of range. *)
Lemma checked_add_cases max a b :
  checked_add max a b = Some (a + b) /\ a + b <= max \/ checked_add max a b = None /\ max < a + b.
Proof. unfold checked_add. destruct (Z.leb_spec (a + b) max); auto. Qed.

Lemma checked_sub_cases a b :
  checked_sub a b = Some (a - b) /\ b <= a \/ checked_sub a b = None /\ a < b.
Proof. unfold checked_sub. destruct (Z.leb_spec b a); auto. Qed.

Lemma checked_mul_cases max a b :
  checked_mul max a b = Some (a * b) /\ a * b <= max \/ checked_mul max a b = None /\ max < a * b.
Proof. unfold checked_mul. destruct (Z.leb_spec (a * b) max); auto. Qed.

(** Split the first checked operation of the goal: the exact result first,
    then the out-of-range case. *)
Ltac split_checked H :=
  match goal with
  | |- context [checked_add ?m ?a ?b] => destruct (checked_add_cases m a b) as [[-> H]|[-> H]]
  | |- context [checked_sub ?a ?b] => destruct (checked_sub_cases a b) as [[-> H]|[-> H]]
  | |- context [checked_mul ?m ?a ?b] => destruct (checked_mul_cases m a b) as [[-> H]|[-> H]]
  end.

(** Running a method one statement at a time. *)
Lemma bind_ok_or {S A B} (o : option A) e (k : A -> op S B) s :
  op_bind (op_lift (ok_or o e)) k s = match o with Some a => k a s | None => Some (s, Err e) end.
Proof. by destruct o. Qed.

Lemma bind_ok {S A B} (m : op S A) (k : A -> op S B) s s' a :
  m s = Some (s', Ok a) -> op_bind m k s = k a s'.
Proof. unfold op_bind. by intros ->. Qed.

Lemma bind_err {S A B} (m : op S A) (k : A -> op S B) s s' e :
  m s = Some (s', Err e) -> op_bind m k s = Some (s', Err e).
Proof. unfold op_bind. by intros ->. Qed.

(** [do! x <- m; k] is [let x = m?; k] of a method. *)
Notation "'do!' x <- m ; k" := (op_bind m (fun x => k))
  (at level 20, x binder, m at level 100, k at level 200, right associativity,
   format "'[v' 'do!'  x  <-  m ; '/' k ']'") : result_scope.

(** ** Tables with allocated identifiers

    [PreparedMap] is modelled by [gmap] where the tree does not matter
    (PreparedMap.v proves that it implements one). *)

(** [prepare_io]: refuse a key in use, then reserve; [admitted] is the
    outcome of the reservation. *)
Definition prepare_io {K A} `{Countable K} (m : gmap K A) (admitted : bool) (k : K) : result unit :=
  if bool_decide (is_Some (m !! k)) then Err EEXIST else if admitted then Ok tt else Err ENOMEM.

(** The loop [if !contains_key(candidate) { return Ok } candidate =
    candidate.checked_add(1).filter(<= max).ok_or(full)?]. Each round skips a
    key of the table, so one round more than its size is enough. *)
Fixpoint scan_free {A} (m : gmap Z A) (max : Z) (full : Errno) (fuel : nat) (candidate : Z)
    : result Z :=
  match fuel with
  | O => Err EIO
  | S fuel' =>
      if bool_decide (m !! candidate = None) then Ok candidate
      else if candidate + 1 <=? max then scan_free m max full fuel' (candidate + 1)
      else Err full
  end.

(** The lowest free identifier from [candidate] on. *)
Lemma scan_free_spec {A} (m : gmap Z A) max full fuel c :
  (size m < fuel)%nat -> c <= max ->
  match scan_free m max full fuel c with
  | Ok c' => c <= c' <= max /\ m !! c' = None /\ forall j, c <= j < c' -> is_Some (m !! j)
  | Err e => e = full /\ forall j, c <= j <= max -> is_Some (m !! j)
  end.
Proof.
  intros Hf Hc.
  enough (forall m0 : gmap Z A, (size m0 < fuel)%nat -> (forall j, c <= j -> m0 !! j = m !! j) ->
    match scan_free m max full fuel c with
    | Ok c' => c <= c' <= max /\ m !! c' = None /\ forall j, c <= j < c' -> is_Some (m !! j)
    | Err e => e = full /\ forall j, c <= j <= max -> is_Some (m !! j)
    end) as H by (by apply (H m)).
  clear Hf. revert c Hc. induction fuel as [|fuel IH]; intros c Hc m0 Hf Heq; [lia|].
  cbn [scan_free]. case_bool_decide as Hn; [split; [lia|]; split; [done|lia]|].
  apply not_eq_None_Some in Hn.
  destruct (Z.leb_spec (c + 1) max) as [Hle|Hgt].
  - assert (size (delete c m0) < fuel)%nat as Hf'.
    { pose proof (map_size_ne_0_lookup_2 m0 c ltac:(by rewrite Heq)).
      rewrite map_size_delete, Heq by lia. destruct Hn as [x ->]. lia. }
    specialize (IH (c + 1) Hle (delete c m0) Hf').
    destruct (scan_free m max full fuel (c + 1)) as [c'|e].
    + destruct IH as (H1 & H2 & H3).
      { intros j Hj. rewrite lookup_delete_ne by lia. apply Heq. lia. }
      split; [lia|]. split; [done|]. intros j Hj. destruct (decide (j = c)) as [->|]; [done|apply H3; lia].
    + destruct IH as (H1 & H2).
      { intros j Hj. rewrite lookup_delete_ne by lia. apply Heq. lia. }
      split; [done|]. intros j Hj. destruct (decide (j = c)) as [->|]; [done|apply H2; lia].
  - split; [done|]. intros j Hj. by replace j with c by lia.
Qed.

(** The number of entries of a table that a key function sends to [q]. *)
Section Refs.
Context {K A B : Type} `{HK : Countable K} `{HB : EqDecision B}.
Implicit Types (f : A -> B) (m : gmap K A).

Definition refs f m (q : B) : Z :=
  Z.of_nat (size (filter (fun kv => f (snd kv) = q) m)).

Lemma refs_insert f m k x q : m !! k = None ->
  refs f (<[k := x]> m) q = refs f m q + (if decide (f x = q) then 1 else 0).
Proof.
  intros Hk. unfold refs. case_decide as Hq.
  - rewrite map_filter_insert_True by done. rewrite map_size_insert_None; [lia|].
    apply map_lookup_filter_None. by left.
  - rewrite map_filter_insert_False by done. rewrite delete_id by done. lia.
Qed.

Lemma refs_delete f m k x q : m !! k = Some x ->
  refs f (delete k m) q = refs f m q - (if decide (f x = q) then 1 else 0).
Proof.
  intros Hk. rewrite <- (insert_delete_id m k x Hk) at 2.
  rewrite refs_insert by apply lookup_delete_eq. lia.
Qed.

Lemma refs_update f m k x y q : m !! k = Some x -> f y = f x ->
  refs f (<[k := y]> m) q = refs f m q.
Proof.
  intros Hk Hf. rewrite <- insert_delete_eq. rewrite refs_insert by apply lookup_delete_eq.
  rewrite (refs_delete f m k x q Hk), Hf. lia.
Qed.

Lemma refs_nonneg f m q : 0 <= refs f m q.
Proof. unfold refs. lia. Qed.

Lemma refs_pos f m k x : m !! k = Some x -> 0 < refs f m (f x).
Proof.
  intros Hk. pose proof (refs_delete f m k x (f x) Hk) as H. rewrite decide_True in H by done.
  pose proof (refs_nonneg f (delete k m) (f x)). lia.
Qed.

Lemma refs_zero f m q : (forall k x, m !! k = Some x -> f x <> q) -> refs f m q = 0.
Proof.
  intros H. unfold refs. assert (filter (fun kv => f (snd kv) = q) m = ∅) as ->; [|done].
  apply map_eq. intros k. rewrite lookup_empty. apply map_lookup_filter_None. right. apply H.
Qed.

Lemma refs_empty f q : refs f ∅ q = 0.
Proof. by apply refs_zero. Qed.

End Refs.

(** The sum of a measure over the entries of a table. *)
Section MapSum.
Context {K A : Type} `{HK : Countable K}.
Implicit Types (f : A -> Z) (m : gmap K A).

Definition map_sum f m : Z := map_fold (fun _ x acc => f x + acc) 0 m.

Lemma map_sum_empty f : map_sum f ∅ = 0.
Proof. apply map_fold_empty. Qed.

Lemma map_sum_insert f m k x : m !! k = None ->
  map_sum f (<[k := x]> m) = f x + map_sum f m.
Proof. intros Hk. unfold map_sum. rewrite map_fold_insert_L; [done|intros; lia|done]. Qed.

Lemma map_sum_delete f m k x : m !! k = Some x ->
  map_sum f (delete k m) = map_sum f m - f x.
Proof.
  intros Hk. rewrite <- (insert_delete_id m k x Hk) at 2.
  rewrite map_sum_insert by apply lookup_delete_eq. lia.
Qed.

Lemma map_sum_update f m k x y : m !! k = Some x ->
  map_sum f (<[k := y]> m) = map_sum f m - f x + f y.
Proof.
  intros Hk. rewrite <- insert_delete_eq, map_sum_insert by apply lookup_delete_eq.
  rewrite (map_sum_delete f m k x Hk). lia.
Qed.

Lemma map_sum_alter f (g : A -> A) m k x : m !! k = Some x ->
  map_sum f (alter g k m) = map_sum f m - f x + f (g x).
Proof.
  intros Hk. rewrite <- (map_sum_update f m k x (g x) Hk). f_equal. apply map_eq. intros k'.
  rewrite lookup_alter, lookup_insert. repeat case_decide; subst; try done. by rewrite Hk.
Qed.

Lemma map_sum_bounds f m c : (forall k x, m !! k = Some x -> 0 <= f x <= c) ->
  0 <= map_sum f m <= Z.of_nat (size m) * c.
Proof.
  induction m as [|k x m Hk IH] using map_ind; intros H.
  { rewrite map_sum_empty, map_size_empty. lia. }
  rewrite map_sum_insert, map_size_insert_None by done.
  pose proof (H k x (lookup_insert_eq _ _ _)). destruct IH as [IH1 IH2]; [|lia].
  intros k' x' Hx. apply (H k'). rewrite lookup_insert_ne; [done|]. congruence.
Qed.

Lemma map_sum_nonneg f m : (forall k x, m !! k = Some x -> 0 <= f x) -> 0 <= map_sum f m.
Proof.
  induction m as [|k x m Hk IH] using map_ind; intros H; [by rewrite map_sum_empty|].
  rewrite map_sum_insert by done. pose proof (H k x (lookup_insert_eq _ _ _)).
  enough (0 <= map_sum f m) by lia. apply IH. intros k' x' Hx. apply (H k').
  rewrite lookup_insert_ne; [done|]. congruence.
Qed.

Lemma map_sum_le f m k x : (forall k x, m !! k = Some x -> 0 <= f x) ->
  m !! k = Some x -> f x <= map_sum f m.
Proof.
  intros H Hk. pose proof (map_sum_delete f m k x Hk).
  enough (0 <= map_sum f (delete k m)) by lia. apply map_sum_nonneg.
  intros k' x' Hx. apply lookup_delete_Some in Hx as [_ Hx]. eauto.
Qed.
End MapSum.

(** The file attributes of crates/shared/src/lib.rs. *)
Record WasmStat : Type := mkStat {
  st_dev : Z; st_ino : Z; st_mode : Z; st_nlink : Z; st_uid : Z; st_gid : Z; st_size : Z;
  st_atime_sec : Z; st_atime_nsec : Z; st_mtime_sec : Z; st_mtime_nsec : Z;
  st_ctime_sec : Z; st_ctime_nsec : Z; st_pad : Z; st_rdev : Z }.

(** ** Little-endian integers *)

(** The low [n] bytes of [x]: [to_le_bytes] of an [8 n]-bit integer, signed or
    not. *)
Fixpoint le_bytes (n : nat) (x : Z) : list Z :=
  match n with O => [] | S n => x mod 256 :: le_bytes n (x / 256) end.
Fixpoint le_value (l : list Z) : Z :=
  match l with [] => 0 | b :: l => b + 256 * le_value l end.

Lemma length_le_bytes n x : length (le_bytes n x) = n.
Proof. revert x. induction n as [|n IH]; intros x; [done|]. simpl. by rewrite IH. Qed.

Lemma le_value_bytes n x : le_value (le_bytes n x) = x mod 256 ^ Z.of_nat n.
Proof.
  revert x. induction n as [|n IH]; intros x; cbn [le_bytes le_value]; [by rewrite Z.mod_1_r|].
  rewrite IH, Nat2Z.inj_succ, Z.pow_succ_r by lia. by rewrite Z.rem_mul_r by lia.
Qed.

Lemma le_bytes_range n x : Forall (fun b => 0 <= b < 256) (le_bytes n x).
Proof. revert x. induction n as [|n IH]; intros x; constructor; [apply Z.mod_pos_bound; lia | apply IH]. Qed.
