(* ===== verification/Budget.v ===== *)
(** * Metadata budgets (crates/runtime-core/src/metadata_budget.rs)

    A budget admits live bytes up to its limit and temporary bytes up to twice
    the limit, and moves an admission tracker that several budgets share. A
    reservation is an owned value: dropping it gives the bytes back. The
    budgets and trackers are the [World], a budget or tracker reference is its
    key; the mutex of a budget is held for a whole method, so methods are
    atomic steps. An [expect] or [assert!] that fails, and the overflow of a
    plain [+], is a panic.

    The accounting invariant [ok] ties the counters to the reservations that
    the program still owns; from it no method panics, and when every
    reservation is gone every counter is zero. *)

From S2P Require Import Prelude.

Definition u128_max : Z := 340282366920938463463374607431768211455.

Record BudgetState : Type := mkState {
  limit : Z; used : Z; temporary : Z; peak_live : Z; peak_temporary : Z; peak_total : Z }.
Record MetadataBudget : Type := mkBudget { state : BudgetState; tracker : option Z }.
(** The tracker state is the pair (current, peak). *)
Record World : Type := mkWorld { budgets : gmap Z MetadataBudget; trackers : gmap Z (Z * Z) }.
Record MetadataReservation : Type := mkReservation { budget : Z; bytes : Z; is_temporary : bool }.

Definition new (lim : Z) : MetadataBudget := mkBudget (mkState lim 0 0 0 0 0) None.
Definition tracked (lim t : Z) : MetadataBudget := mkBudget (state (new lim)) (Some t).

(** ** Operations *)

(** A value that the source unwraps. *)
Definition unwrap {A} (o : option A) : op World A := fun w =>
  match o with Some a => Some (w, Ok a) | None => None end.

(** [self.state.lock()]. *)
Definition lock (b : Z) : op World MetadataBudget := fun w => unwrap (budgets w !! b) w.

(** [AdmissionTracker::replace]. *)
Definition replace (st : Z * Z) (previous next : Z) : option (Z * Z) :=
  match checked_sub (fst st) previous with
  | None => None
  | Some rest =>
      match checked_add u128_max rest next with
      | None => None
      | Some current => Some (current, Z.max (snd st) current)
      end
  end.

(** The tracker half of [record]. *)
Definition track (tr : option Z) (previous total : Z) : op World unit := fun w =>
  if previous =? total then Some (w, Ok tt)
  else match tr with
       | None => Some (w, Ok tt)
       | Some t =>
           match trackers w !! t with
           | None => None
           | Some st =>
               match replace st previous total with
               | None => None
               | Some st' => Some (mkWorld (budgets w) (<[t := st']> (trackers w)), Ok tt)
               end
           end
       end.

Definition with_peaks (s : BudgetState) (total : Z) : BudgetState :=
  mkState (limit s) (used s) (temporary s) (Z.max (peak_live s) (used s))
    (Z.max (peak_temporary s) (temporary s)) (Z.max (peak_total s) total).

(** [state.used + state.temporary]. *)
Definition usage (s : BudgetState) : option Z := checked_add usize_max (used s) (temporary s).

Definition store (b : Z) (bd : MetadataBudget) (s : BudgetState) : op World unit :=
  op_modify (fun w => mkWorld (<[b := mkBudget s (tracker bd)]> (budgets w)) (trackers w)).

Definition record (b : Z) (bd : MetadataBudget) (s : BudgetState) (previous : Z) : op World unit :=
  do! total <- unwrap (usage s);
  do! _ <- store b bd (with_peaks s total);
  track (tracker bd) previous total.

(** The two counters of a state, and their bounds. *)
Definition counter (temp : bool) (s : BudgetState) : Z := if temp then temporary s else used s.
Definition bound (temp : bool) (s : BudgetState) : Z :=
  if temp then saturating_mul usize_max (limit s) 2 else limit s.
Definition set_counter (temp : bool) (s : BudgetState) (n : Z) : BudgetState :=
  if temp then mkState (limit s) (used s) n (peak_live s) (peak_temporary s) (peak_total s)
  else mkState (limit s) n (temporary s) (peak_live s) (peak_temporary s) (peak_total s).

(** [reserve] ([temp] false) and [reserve_temporary] ([temp] true). *)
Definition reserve (temp : bool) (b n : Z) : op World MetadataReservation :=
  do! bd <- lock b;
  let s := state bd in
  do! u <- op_lift (ok_or (checked_add usize_max (counter temp s) n) ENOMEM);
  do! _ <- op_lift (ok_or (checked_add usize_max u (counter (negb temp) s)) ENOMEM);
  if bound temp s <? u then op_err ENOMEM
  else
    do! previous <- unwrap (usage s);
    do! _ <- record b bd (set_counter temp s u) previous;
    op_ret (mkReservation b n temp).

Definition empty (b : Z) : MetadataReservation := mkReservation b 0 false.

Definition set_limit (b lim : Z) : op World unit :=
  do! bd <- lock b;
  let s := state bd in
  if (lim <? used s) || (saturating_mul usize_max lim 2 <? temporary s) then op_err ENOMEM
  else store b bd (mkState lim (used s) (temporary s) (peak_live s) (peak_temporary s) (peak_total s)).

(** The closure [total] of [exchange]. *)
Fixpoint total_of (b : Z) (temp : bool) (acc : Z) (rs : list MetadataReservation) : result Z :=
  match rs with
  | [] => Ok acc
  | r :: rs' =>
      if negb (budget r =? b) || negb (Bool.eqb (is_temporary r) temp) then Err EIO
      else let? acc' := ok_or (checked_add usize_max acc (bytes r)) ENOMEM in
           total_of b temp acc' rs'
  end.

Definition with_temporary (temp : bool) (r : MetadataReservation) : MetadataReservation :=
  mkReservation (budget r) (bytes r) temp.

(** [exchange]: the reservations of both slices after the call. *)
Definition exchange (b : Z) (promote demote : list MetadataReservation)
    : op World (list MetadataReservation * list MetadataReservation) :=
  do! promoted <- op_lift (total_of b true 0 promote);
  do! demoted <- op_lift (total_of b false 0 demote);
  do! bd <- lock b;
  let s := state bd in
  do! u0 <- op_lift (ok_or (checked_sub (used s) demoted) EIO);
  do! u <- op_lift (ok_or (checked_add usize_max u0 promoted) ENOMEM);
  do! t0 <- op_lift (ok_or (checked_sub (temporary s) promoted) EIO);
  do! t <- op_lift (ok_or (checked_add usize_max t0 demoted) ENOMEM);
  do! _ <- op_lift (ok_or (checked_add usize_max u t) ENOMEM);
  if (limit s <? u) || (saturating_mul usize_max (limit s) 2 <? t) then op_err ENOMEM
  else
    do! previous <- unwrap (usage s);
    do! _ <- record b bd (set_counter true (set_counter false s u) t) previous;
    op_ret (map (with_temporary false) promote, map (with_temporary true) demote).

(** [split]: the shrunk reservation and the part split off. *)
Definition split (r : MetadataReservation) (n : Z) : option (MetadataReservation * MetadataReservation) :=
  match checked_sub (bytes r) n with
  | None => None
  | Some rest => Some (mkReservation (budget r) rest (is_temporary r),
                       mkReservation (budget r) n (is_temporary r))
  end.

Definition merge (r other : MetadataReservation) : option MetadataReservation :=
  if (budget r =? budget other) && Bool.eqb (is_temporary r) (is_temporary other) then
    match checked_add usize_max (bytes r) (bytes other) with
    | None => None
    | Some n => Some (mkReservation (budget r) n (is_temporary r))
    end
  else None.

(** [resize]: the reservation after the call. *)
Definition resize (r : MetadataReservation) (n : Z) : op World MetadataReservation :=
  do! bd <- lock (budget r);
  let s := state bd in
  let temp := is_temporary r in
  do! rest <- op_lift (ok_or (checked_sub (counter temp s) (bytes r)) EIO);
  do! u <- op_lift (ok_or (checked_add usize_max rest n) ENOMEM);
  do! _ <- op_lift (ok_or (checked_add usize_max u (counter (negb temp) s)) ENOMEM);
  if bound temp s <? u then op_err ENOMEM
  else
    do! previous <- unwrap (usage s);
    do! _ <- record (budget r) bd (set_counter temp s u) previous;
    op_ret (mkReservation (budget r) n temp).

(** [Drop for MetadataReservation]. *)
Definition drop_reservation (r : MetadataReservation) : op World unit :=
  do! bd <- lock (budget r);
  let s := state bd in
  do! previous <- unwrap (usage s);
  do! rest <- unwrap (checked_sub (counter (is_temporary r) s) (bytes r));
  record (budget r) bd (set_counter (is_temporary r) s rest) previous.

(** [MetadataBytes]: bytes with the reservation that pays twice their
    capacity. [alloc n] is the capacity a vector of [n] bytes gets from the
    allocator, [None] when it fails. An early return drops the reservation. *)
Record MetadataBytes : Type := mkBytes { contents : list Z; reservation : MetadataReservation }.

Definition or_drop {A B} (r : MetadataReservation) (m : op World A) (k : A -> op World B) : op World B :=
  op_match m k (fun e => do! _ <- drop_reservation r; op_err e).

Definition empty_bytes (b : Z) : MetadataBytes := mkBytes [] (empty b).

(** [copy_from] of [source], and [zeroed] with [source] a list of zeros. *)
Definition copy_from (alloc : Z -> option Z) (b : Z) (source : list Z) : op World MetadataBytes :=
  do! want <- op_lift (ok_or (checked_mul usize_max (lenZ source) 2) ENOMEM);
  do! r <- reserve false b want;
  or_drop r (op_lift (ok_or (alloc (lenZ source)) ENOMEM)) (fun capacity =>
  or_drop r (op_lift (ok_or (checked_mul usize_max capacity 2) ENOMEM)) (fun actual =>
  or_drop r (resize r actual) (fun r' => op_ret (mkBytes source r')))).

Definition zeroed (alloc : Z -> option Z) (b : Z) (len : nat) : op World MetadataBytes :=
  copy_from alloc b (replicate len 0).

Definition from_vec (b : Z) (source : list Z) (capacity : Z) : op World MetadataBytes :=
  do! want <- op_lift (ok_or (checked_mul usize_max capacity 2) ENOMEM);
  do! r <- reserve false b want;
  op_ret (mkBytes source r).

(** ** The accounting invariant

    [own] holds the reservations the program owns, by handle. *)
Definition in_account (b : Z) (temp : bool) (r : MetadataReservation) : Z :=
  if (budget r =? b) && Bool.eqb (is_temporary r) temp then bytes r else 0.
Definition held (own : gmap Z MetadataReservation) (b : Z) (temp : bool) : Z :=
  map_sum (in_account b temp) own.

Definition in_tracker (t : Z) (bd : MetadataBudget) : Z :=
  if bool_decide (tracker bd = Some t) then used (state bd) + temporary (state bd) else 0.
Definition admitted (w : World) (t : Z) : Z := map_sum (in_tracker t) (budgets w).

Record state_ok (s : BudgetState) : Prop := {
  so_used : 0 <= used s <= limit s;
  so_temporary : 0 <= temporary s <= saturating_mul usize_max (limit s) 2;
  so_total : used s + temporary s <= usize_max;
  so_peaks : used s <= peak_live s /\ temporary s <= peak_temporary s
    /\ used s + temporary s <= peak_total s;
}.

Record ok (w : World) (own : gmap Z MetadataReservation) : Prop := {
  ok_state b bd : budgets w !! b = Some bd -> state_ok (state bd);
  ok_exact b bd temp : budgets w !! b = Some bd -> counter temp (state bd) = held own b temp;
  ok_owned h r : own !! h = Some r -> is_Some (budgets w !! budget r) /\ 0 <= bytes r;
  ok_tracker t st : trackers w !! t = Some st -> fst st = admitted w t /\ fst st <= snd st;
  ok_reference b bd t : budgets w !! b = Some bd -> tracker bd = Some t -> is_Some (trackers w !! t);
  ok_size : Z.of_nat (size (budgets w)) <= usize_max;
}.

(** A budget without its peaks: what admission depends on. *)
Definition account (w : World) (b : Z) : option (Z * Z * Z) :=
  option_map (fun bd => (limit (state bd), used (state bd), temporary (state bd))) (budgets w !! b).

Lemma in_tracker_bounds w own t : ok w own ->
  forall b bd, budgets w !! b = Some bd -> 0 <= in_tracker t bd <= usize_max.
Proof.
  intros Hok b bd Hb. destruct (ok_state _ _ Hok b bd Hb) as [H1 H2 H3 _].
  unfold in_tracker. case_bool_decide; unfold usize_max, u32_max in *; lia.
Qed.

Lemma held_bytes w own h r : ok w own -> own !! h = Some r ->
  0 <= bytes r <= held own (budget r) (is_temporary r).
Proof.
  intros Hok Hr. split; [apply (ok_owned _ _ Hok h r Hr)|].
  assert (bytes r = in_account (budget r) (is_temporary r) r) as ->.
  { unfold in_account. by rewrite Z.eqb_refl, Bool.eqb_reflx. }
  apply map_sum_le with h; [|done]. intros k x Hx. unfold in_account.
  destruct (_ && _); [apply (ok_owned _ _ Hok k x Hx)|lia].
Qed.

(** Replacing the state of one budget moves its tracker by the difference. *)
Lemma admitted_store w own b bd s t : ok w own -> budgets w !! b = Some bd ->
  admitted (mkWorld (<[b := mkBudget s (tracker bd)]> (budgets w)) (trackers w)) t
  = admitted w t - in_tracker t bd + in_tracker t (mkBudget s (tracker bd)).
Proof. intros Hok Hb. unfold admitted. simpl. by apply map_sum_update. Qed.

(** The common end of every method: publish new counters that are in bounds,
    count the reservations of [own'] and lie on top of unchanged peaks. *)
Definition fits (s s' : BudgetState) : Prop :=
  limit s' = limit s /\ 0 <= used s' <= limit s
  /\ 0 <= temporary s' <= saturating_mul usize_max (limit s) 2
  /\ used s' + temporary s' <= usize_max.

Definition counts (own own' : gmap Z MetadataReservation) (b : Z) (s' : BudgetState) : Prop :=
  forall b' temp, held own' b' temp = if decide (b' = b) then counter temp s' else held own b' temp.

Definition recorded (w w' : World) (b : Z) (s' : BudgetState) : Prop :=
  account w' b = Some (limit s', used s', temporary s')
  /\ (forall b', b' <> b -> budgets w' !! b' = budgets w !! b')
  /\ forall b', is_Some (budgets w' !! b') <-> is_Some (budgets w !! b').

(** The world after the counters of [b] are replaced, with any tracker table
    that agrees with it. *)
Definition stored (w : World) (b : Z) (bd : MetadataBudget) (s : BudgetState) : World :=
  mkWorld (<[b := mkBudget s (tracker bd)]> (budgets w)) (trackers w).

Lemma stored_recorded w b bd s tr : budgets w !! b = Some bd ->
  recorded w (mkWorld (budgets (stored w b bd s)) tr) b s.
Proof.
  intros Hb. unfold recorded, account, stored. simpl. rewrite lookup_insert_eq. split; [done|]. split.
  - intros b' Hne. by rewrite lookup_insert_ne.
  - intros b'. destruct (decide (b' = b)) as [->|].
    + rewrite lookup_insert_eq. split; eauto.
    + by rewrite lookup_insert_ne.
Qed.

Lemma stored_ok w own own' b bd s tr : ok w own -> budgets w !! b = Some bd -> state_ok s ->
  counts own own' b s ->
  (forall h r, own' !! h = Some r -> is_Some (budgets w !! budget r) /\ 0 <= bytes r) ->
  (forall t st, tr !! t = Some st -> fst st = admitted (stored w b bd s) t /\ fst st <= snd st) ->
  (forall t, is_Some (trackers w !! t) -> is_Some (tr !! t)) ->
  ok (mkWorld (budgets (stored w b bd s)) tr) own'.
Proof.
  intros Hok Hb Hs Hc Ho Htr Hsub. split; simpl.
  - intros b' bd' [[<- <-]|[Hne Hb']]%lookup_insert_Some; [done|by eapply ok_state].
  - intros b' bd' temp. rewrite Hc. intros [[<- <-]|[Hne Hb']]%lookup_insert_Some.
    + by rewrite decide_True.
    + rewrite decide_False by done. by eapply ok_exact.
  - intros h r Hr. destruct (Ho h r Hr) as [Hsm ?]. split; [|done].
    by apply (stored_recorded w b bd s tr Hb).
  - done.
  - intros b' bd' t [[<- <-]|[Hne Hb']]%lookup_insert_Some Hb2; apply Hsub; [|by eapply ok_reference].
    by eapply (ok_reference _ _ Hok b bd).
  - rewrite map_size_insert_Some by eauto. apply (ok_size _ _ Hok).
Qed.

(** The tracker follows: it neither underflows nor overflows, and stays the
    sum of what its budgets admitted. *)
Lemma track_spec w own b bd s : ok w own -> budgets w !! b = Some bd -> state_ok s ->
  exists tr, track (tracker bd) (used (state bd) + temporary (state bd)) (used s + temporary s)
      (stored w b bd s) = Some (mkWorld (budgets (stored w b bd s)) tr, Ok tt)
    /\ (forall t st, tr !! t = Some st -> fst st = admitted (stored w b bd s) t /\ fst st <= snd st)
    /\ (forall t, is_Some (trackers w !! t) -> is_Some (tr !! t))
    /\ (used s + temporary s = used (state bd) + temporary (state bd) -> tr = trackers w).
Proof.
  intros Hok Hb Hs.
  assert (forall t, admitted (stored w b bd s) t
    = admitted w t - in_tracker t bd + in_tracker t (mkBudget s (tracker bd))) as Had
    by (intros t; by eapply admitted_store).
  assert (forall t, in_tracker t bd = in_tracker t (mkBudget s (tracker bd)) ->
    forall st, trackers w !! t = Some st -> fst st = admitted (stored w b bd s) t /\ fst st <= snd st) as Hsame.
  { intros t He st Hst. destruct (ok_tracker _ _ Hok t st Hst) as [H1 H2]. rewrite Had. lia. }
  unfold track. destruct (Z.eqb_spec (used (state bd) + temporary (state bd)) (used s + temporary s)) as [He|Hne].
  { exists (trackers w). split; [done|]. split; [|done]. intros t st. apply Hsame. unfold in_tracker. simpl.
    case_bool_decide; lia. }
  destruct (tracker bd) as [t|] eqn:Etr.
  2:{ exists (trackers w). split; [done|]. split; [|done]. intros t st. apply Hsame. unfold in_tracker. simpl.
      rewrite Etr. by rewrite bool_decide_eq_false_2. }
  destruct (ok_reference _ _ Hok b bd t Hb Etr) as [st Hst]. simpl. rewrite Hst.
  destruct (ok_tracker _ _ Hok t st Hst) as [Hcur Hpeak].
  pose proof (in_tracker_bounds w own t Hok) as Hbd.
  assert (in_tracker t bd = used (state bd) + temporary (state bd)) as Hin
    by (unfold in_tracker; by rewrite bool_decide_eq_true_2).
  assert (used (state bd) + temporary (state bd) <= fst st) as Hle.
  { rewrite Hcur, <- Hin. eapply map_sum_le; [|done]. intros k x Hx. apply (Hbd k x Hx). }
  assert (fst st <= u32_max * u32_max) as Hmax.
  { rewrite Hcur. pose proof (ok_size _ _ Hok). pose proof (proj2 (map_sum_bounds _ _ usize_max Hbd)).
    unfold admitted, usize_max in *. nia. }
  pose proof (Hbd b bd Hb). destruct Hs as [S1 S2 S3 _]. unfold replace, checked_sub, checked_add.
  rewrite (proj2 (Z.leb_le _ (fst st))) by lia.
  rewrite (proj2 (Z.leb_le _ u128_max)) by (unfold u128_max, usize_max, u32_max in *; lia).
  eexists. split; [done|]. split_and!; [| |by intros ?].
  - intros t' st' [[<- <-]|[Hn Hst']]%lookup_insert_Some.
    + rewrite Had, Hin, <- Hcur. unfold in_tracker. rewrite bool_decide_eq_true_2 by done. simpl. lia.
    + apply (Hsame t'); [|done]. unfold in_tracker. simpl. rewrite Etr.
      by rewrite !bool_decide_eq_false_2 by congruence.
  - intros t' Ht'. destruct (decide (t' = t)) as [->|]; [rewrite lookup_insert_eq; eauto|].
    by rewrite lookup_insert_ne.
Qed.

Lemma record_spec w own own' b bd s' : ok w own -> budgets w !! b = Some bd ->
  fits (state bd) s' -> counts own own' b s' ->
  (forall h r, own' !! h = Some r -> is_Some (budgets w !! budget r) /\ 0 <= bytes r) ->
  exists w', record b bd s' (used (state bd) + temporary (state bd)) w = Some (w', Ok tt)
    /\ ok w' own' /\ recorded w w' b s'
    /\ (used s' + temporary s' = used (state bd) + temporary (state bd) -> trackers w' = trackers w).
Proof.
  intros Hok Hb (Hl & Hu & Ht & Hs) Hc Ho.
  set (s2 := with_peaks s' (used s' + temporary s')).
  assert (state_ok s2) as Hs2.
  { unfold s2, with_peaks. split; simpl; rewrite ?Hl. all: lia. }
  destruct (track_spec w own b bd s2 Hok Hb Hs2) as (tr & Htr & H1 & H2 & H3).
  exists (mkWorld (budgets (stored w b bd s2)) tr). split_and!.
  - unfold record, op_bind, unwrap, usage, store, op_modify, checked_add.
    by rewrite (proj2 (Z.leb_le _ _)) by lia.
  - by apply (stored_ok w own).
  - by apply (stored_recorded w b bd s2).
  - done.
Qed.

(** ** Each method against the invariant *)

Lemma usage_ok w own b bd : ok w own -> budgets w !! b = Some bd ->
  usage (state bd) = Some (used (state bd) + temporary (state bd)).
Proof.
  intros Hok Hb. destruct (ok_state _ _ Hok b bd Hb) as [_ _ H _].
  unfold usage, checked_add. by rewrite (proj2 (Z.leb_le _ _)).
Qed.

Lemma fits_counter s temp u : state_ok s -> 0 <= u <= bound temp s ->
  u + counter (negb temp) s <= usize_max -> fits s (set_counter temp s u).
Proof. intros [H1 H2 H3 _]. destruct temp; unfold fits, bound, counter, set_counter; simpl; lia. Qed.

Lemma counter_set temp temp' s u :
  counter temp' (set_counter temp s u) = if Bool.eqb temp' temp then u else counter temp' s.
Proof. by destruct temp, temp'. Qed.

(** Moving one counter of [b] to the sum over the new reservations. *)
Lemma counts_counter w own own' b bd temp u : ok w own -> budgets w !! b = Some bd ->
  (forall b' temp', held own' b' temp'
     = if decide (b' = b /\ temp' = temp) then u else held own b' temp') ->
  counts own own' b (set_counter temp (state bd) u).
Proof.
  intros Hok Hb H b' temp'. rewrite H, counter_set. destruct (decide (b' = b)) as [->|Hn].
  - destruct (decide (temp' = temp)) as [->|Ht].
    + by rewrite decide_True, Bool.eqb_reflx.
    + rewrite decide_False by naive_solver. rewrite (proj2 (Bool.eqb_false_iff _ _)) by done.
      symmetry. by eapply ok_exact.
  - by rewrite decide_False by naive_solver.
Qed.

Lemma in_account_self b temp n : in_account b temp (mkReservation b n temp) = n.
Proof. unfold in_account. simpl. by rewrite Z.eqb_refl, Bool.eqb_reflx. Qed.

Lemma in_account_cases b temp r :
  in_account b temp r = if decide (b = budget r /\ temp = is_temporary r) then bytes r else 0.
Proof.
  unfold in_account. destruct (Z.eqb_spec (budget r) b), (Bool.eqb_spec (is_temporary r) temp); simpl;
    case_decide; naive_solver.
Qed.

Lemma bind_unwrap {A B} (o : option A) (k : A -> op World B) w :
  op_bind (unwrap o) k w = match o with Some a => k a w | None => None end.
Proof. by destruct o. Qed.

Lemma bind_lock {B} b bd (k : MetadataBudget -> op World B) w : budgets w !! b = Some bd ->
  op_bind (lock b) k w = k bd w.
Proof. intros H. apply bind_ok. unfold lock. by rewrite H. Qed.

(** The branches that refuse leave the world alone. *)
Ltac refuse := eexists _, _; split; [done|]; split_and!; solve [done | lia].

(** [reserve] admits exactly the requests that fit. *)
Lemma reserve_spec w own b bd temp n : ok w own -> budgets w !! b = Some bd -> 0 <= n ->
  let s := state bd in
  exists w' r, reserve temp b n w = Some (w', r) /\
  match r with
  | Ok res => res = mkReservation b n temp
      /\ counter temp s + n <= bound temp s /\ used s + temporary s + n <= usize_max
      /\ (forall h, own !! h = None -> ok w' (<[h := res]> own))
      /\ recorded w w' b (set_counter temp s (counter temp s + n))
  | Err e => w' = w /\ e = ENOMEM
      /\ (bound temp s < counter temp s + n \/ usize_max < used s + temporary s + n)
  end.
Proof.
  intros Hok Hb Hn s. pose proof (ok_state _ _ Hok b bd Hb) as Hs. fold s in Hs.
  assert (used s + temporary s = counter temp s + counter (negb temp) s) as Ht by (destruct temp; simpl; lia).
  assert (0 <= counter temp s /\ 0 <= counter (negb temp) s) as [Hp Hq] by (destruct Hs, temp; simpl; lia).
  unfold reserve. rewrite (bind_lock b bd) by done. fold s. cbv zeta.
  rewrite bind_ok_or. split_checked H1; [|refuse].
  rewrite bind_ok_or. split_checked H2; [|refuse].
  destruct (Z.ltb_spec (bound temp s) (counter temp s + n)) as [H3|H3]; [refuse|].
  rewrite bind_unwrap. unfold s. rewrite (usage_ok w own b bd Hok Hb). fold s.
  assert (forall h, own !! h = None ->
    exists w', record b bd (set_counter temp s (counter temp s + n)) (used s + temporary s) w = Some (w', Ok tt)
      /\ ok w' (<[h := mkReservation b n temp]> own)
      /\ recorded w w' b (set_counter temp s (counter temp s + n))) as Hrec.
  { intros h Hh. destruct (record_spec w own (<[h := mkReservation b n temp]> own) b bd
      (set_counter temp s (counter temp s + n))) as (w' & Hw & Hok' & Hrd & _);
      [done|done|apply fits_counter; [done|lia|lia]| | |eauto].
    - eapply counts_counter; [done|done|]. intros b' temp'. unfold held. rewrite map_sum_insert by done.
      fold (held own b' temp'). rewrite in_account_cases. simpl. case_decide as E; [|lia].
      destruct E as [-> ->]. unfold s. rewrite (ok_exact _ _ Hok b bd temp Hb). lia.
    - intros h' r [[<- <-]|[_ Hr]]%lookup_insert_Some; [simpl; split; [eauto|lia]|by eapply ok_owned]. }
  destruct (Hrec (fresh (dom own))) as (w' & Hw & _ & Hrd); [apply not_elem_of_dom, is_fresh|].
  exists w', (Ok (mkReservation b n temp)). unfold op_bind. rewrite Hw. split; [done|].
  split_and!; [done|lia|lia| |done].
  intros h Hh. destruct (Hrec h Hh) as (w2 & Hw2 & Hok2 & _). congruence.
Qed.

(** Dropping an owned reservation never underflows. *)
Lemma drop_spec w own h r : ok w own -> own !! h = Some r ->
  exists w', drop_reservation r w = Some (w', Ok tt) /\ ok w' (delete h own).
Proof.
  intros Hok Hr. destruct (ok_owned _ _ Hok h r Hr) as [[bd Hb] Hn].
  pose proof (ok_state _ _ Hok _ bd Hb) as Hs. pose proof (held_bytes w own h r Hok Hr) as Hheld.
  rewrite <- (ok_exact _ _ Hok _ bd _ Hb) in Hheld.
  set (s := state bd) in *. set (temp := is_temporary r) in *.
  unfold drop_reservation. rewrite (bind_lock _ bd) by done. fold s temp. cbv zeta.
  rewrite bind_unwrap. unfold s. rewrite (usage_ok w own _ bd Hok Hb). fold s.
  rewrite bind_unwrap. split_checked H1; [|lia].
  destruct (record_spec w own (delete h own) (budget r) bd (set_counter temp s (counter temp s - bytes r)))
    as (w' & Hw & Hok' & _); [done|done| | | |eauto].
  - apply fits_counter; [done| |]; destruct Hs, temp; simpl in *; lia.
  - eapply counts_counter; [done|done|]. intros b' temp'. unfold held. rewrite (map_sum_delete _ _ _ _ Hr).
    fold (held own b' temp'). rewrite in_account_cases. fold temp. case_decide as E; [|lia].
    destruct E as [-> ->]. unfold s. by rewrite (ok_exact _ _ Hok _ bd temp Hb).
  - intros h' r' [_ Hr']%lookup_delete_Some. by eapply ok_owned.
Qed.

(** Resizing an owned reservation: the error EIO of an account that does not
    hold it cannot occur. *)
Lemma resize_spec w own h r n : ok w own -> own !! h = Some r -> 0 <= n ->
  exists w' res, resize r n w = Some (w', res) /\
  match res with
  | Ok r' => r' = mkReservation (budget r) n (is_temporary r) /\ ok w' (<[h := r']> own)
  | Err e => w' = w /\ e = ENOMEM
  end.
Proof.
  intros Hok Hr Hn0. destruct (ok_owned _ _ Hok h r Hr) as [[bd Hb] Hn].
  pose proof (ok_state _ _ Hok _ bd Hb) as Hs. pose proof (held_bytes w own h r Hok Hr) as Hheld.
  rewrite <- (ok_exact _ _ Hok _ bd _ Hb) in Hheld.
  set (s := state bd) in *. set (temp := is_temporary r) in *.
  assert (0 <= counter (negb temp) s) as Hq by (destruct Hs, temp; simpl; lia).
  unfold resize. rewrite (bind_lock _ bd) by done. fold s temp. cbv zeta.
  rewrite bind_ok_or. split_checked H0; [|lia].
  rewrite bind_ok_or. split_checked H1; [|refuse].
  rewrite bind_ok_or. split_checked H2; [|refuse].
  destruct (Z.ltb_spec (bound temp s) (counter temp s - bytes r + n)) as [H3|H3]; [refuse|].
  rewrite bind_unwrap. unfold s. rewrite (usage_ok w own _ bd Hok Hb). fold s.
  destruct (record_spec w own (<[h := mkReservation (budget r) n temp]> own) (budget r) bd
    (set_counter temp s (counter temp s - bytes r + n))) as (w' & Hw & Hok' & _); [done|done| | | |].
  - apply fits_counter; [done|lia|lia].
  - eapply counts_counter; [done|done|]. intros b' temp'. unfold held. rewrite (map_sum_update _ _ _ _ _ Hr).
    fold (held own b' temp'). rewrite !in_account_cases. simpl. fold temp. case_decide as E; [|lia].
    destruct E as [-> ->]. unfold s. rewrite (ok_exact _ _ Hok _ bd temp Hb). lia.
  - intros h' r' [[<- <-]|[_ Hr']]%lookup_insert_Some; [simpl; split; [eauto|lia]|by eapply ok_owned].
  - exists w', (Ok (mkReservation (budget r) n temp)). unfold op_bind. fold s in Hw. rewrite Hw. done.
Qed.

(** Redistributing reservations without touching the counters. *)
Lemma own_ok w own own' : ok w own -> (forall b temp, held own' b temp = held own b temp) ->
  (forall h r, own' !! h = Some r -> is_Some (budgets w !! budget r) /\ 0 <= bytes r) -> ok w own'.
Proof.
  intros [H1 H2 H3 H4 H5 H6] Hh Ho. split; try done. intros b bd temp Hb. rewrite Hh. by apply H2.
Qed.

Lemma split_spec w own h h' r n : ok w own -> own !! h = Some r -> own !! h' = None ->
  0 <= n <= bytes r ->
  exists r1 r2, split r n = Some (r1, r2) /\ bytes r1 + bytes r2 = bytes r
    /\ ok w (<[h' := r2]> (<[h := r1]> own)).
Proof.
  intros Hok Hr Hh' Hn. unfold split. split_checked H1; [|lia]. eexists _, _. split; [done|]. split; [simpl; lia|].
  destruct (ok_owned _ _ Hok h r Hr) as [Hb _]. apply (own_ok w own); [done| |].
  - intros b temp. unfold held. assert (h <> h') by congruence.
    rewrite map_sum_insert by (by rewrite lookup_insert_ne). rewrite (map_sum_update _ _ _ _ _ Hr).
    rewrite !in_account_cases. simpl. case_decide; lia.
  - intros k x [[<- <-]|[_ [[<- <-]|[_ Hx]]%lookup_insert_Some]]%lookup_insert_Some; simpl.
    + split; [done|lia].
    + split; [done|lia].
    + by eapply ok_owned.
Qed.

Lemma merge_spec w own h h' r other : ok w own -> own !! h = Some r -> own !! h' = Some other -> h <> h' ->
  budget r = budget other -> is_temporary r = is_temporary other ->
  exists r', merge r other = Some r' /\ bytes r' = bytes r + bytes other
    /\ ok w (<[h := r']> (delete h' own)).
Proof.
  intros Hok Hr Ho Hne Eb Et. unfold merge. rewrite Eb, Et, Z.eqb_refl, Bool.eqb_reflx. simpl.
  destruct (ok_owned _ _ Hok h r Hr) as [[bd Hb] Hn]. destruct (ok_owned _ _ Hok h' other Ho) as [_ Hn'].
  assert (delete h' own !! h = Some r) as Hd by (by rewrite lookup_delete_ne).
  assert (bytes r + bytes other <= held own (budget r) (is_temporary r)) as Hle.
  { unfold held. pose proof (map_sum_delete (in_account (budget r) (is_temporary r)) own h' other Ho) as E.
    rewrite in_account_cases, decide_True in E by done.
    assert (bytes r <= map_sum (in_account (budget r) (is_temporary r)) (delete h' own)); [|lia].
    rewrite <- (in_account_self (budget r) (is_temporary r) (bytes r)) at 1.
    assert (mkReservation (budget r) (bytes r) (is_temporary r) = r) as -> by (by destruct r).
    apply map_sum_le with h; [|done]. intros k x [_ Hx]%lookup_delete_Some. rewrite in_account_cases.
    case_decide; [apply (ok_owned _ _ Hok k x Hx)|lia]. }
  rewrite <- (ok_exact _ _ Hok _ bd _ Hb) in Hle. pose proof (ok_state _ _ Hok _ bd Hb) as Hs.
  assert (counter (is_temporary r) (state bd) <= usize_max) by (destruct Hs, (is_temporary r); simpl; lia).
  split_checked H1; [|lia]. eexists. split; [done|]. split; [done|]. apply (own_ok w own); [done| |].
  - intros b temp. unfold held. rewrite (map_sum_update _ _ _ _ _ Hd), (map_sum_delete _ _ _ _ Ho).
    rewrite !in_account_cases. simpl. rewrite Eb, Et. case_decide; lia.
  - intros k x [[<- <-]|[_ [_ Hx]%lookup_delete_Some]]%lookup_insert_Some; simpl; [|by eapply ok_owned].
    split; [rewrite <- Eb; eauto|lia].
Qed.

Lemma set_limit_spec w own b bd lim : ok w own -> budgets w !! b = Some bd ->
  exists w' r, set_limit b lim w = Some (w', r) /\
  match r with
  | Ok _ => ok w' own /\ account w' b = Some (lim, used (state bd), temporary (state bd))
  | Err e => w' = w /\ e = ENOMEM
      /\ (lim < used (state bd) \/ saturating_mul usize_max lim 2 < temporary (state bd))
  end.
Proof.
  intros Hok Hb. unfold set_limit. rewrite (bind_lock b bd) by done. cbv zeta.
  destruct (_ || _) eqn:E; to_prop; [refuse|]. eexists _, _. split; [done|].
  pose proof (ok_state _ _ Hok b bd Hb) as [S1 S2 S3 S4].
  split; [|unfold account; simpl; by rewrite lookup_insert_eq].
  set (s := mkState lim (used (state bd)) (temporary (state bd)) (peak_live (state bd))
              (peak_temporary (state bd)) (peak_total (state bd))).
  apply (stored_ok w own own b bd s (trackers w)); try done.
  - split; simpl; lia.
  - intros b' temp. case_decide; [subst|done]. rewrite <- (ok_exact _ _ Hok b bd temp Hb). by destruct temp.
  - intros h r Hr. by eapply ok_owned.
  - intros t st Hst. destruct (ok_tracker _ _ Hok t st Hst). split; [|done].
    unfold stored. rewrite (admitted_store w own b bd s t Hok Hb). unfold in_tracker. simpl. case_bool_decide; lia.
Qed.

(** ** Exchange *)

Definition set_class (temp : bool) (hs : list Z) (own : gmap Z MetadataReservation) :=
  foldr (fun h own => alter (with_temporary temp) h own) own hs.

Lemma set_class_lookup temp hs own h : set_class temp hs own !! h
  = (if decide (h ∈ hs) then with_temporary temp else id) <$> own !! h.
Proof.
  induction hs as [|x hs IH]; simpl; [by rewrite option_fmap_id|]. rewrite lookup_alter.
  destruct (decide (h = x)) as [->|Hn].
  - rewrite decide_True, IH by done. rewrite (decide_True (P := x ∈ x :: hs)) by set_solver.
    case_decide; destruct (own !! x); done.
  - rewrite decide_False, IH by done. repeat case_decide; destruct (own !! h); set_solver.
Qed.

Definition all_in (b : Z) (temp : bool) (own : gmap Z MetadataReservation) (hs : list Z)
    (rs : list MetadataReservation) : Prop :=
  Forall2 (fun h r => own !! h = Some r) hs rs
  /\ Forall (fun r => budget r = b /\ is_temporary r = temp) rs.

Definition sum_bytes (rs : list MetadataReservation) : Z := foldr (fun r n => bytes r + n) 0 rs.

Lemma total_of_Ok b temp rs acc n : total_of b temp acc rs = Ok n ->
  n = acc + sum_bytes rs /\ Forall (fun r => budget r = b /\ is_temporary r = temp) rs.
Proof.
  revert acc. induction rs as [|r rs IH]; intros acc; simpl.
  - intros [= <-]. split; [lia|constructor].
  - destruct (_ || _) eqn:E; [done|]. to_prop. split_checked H1; simpl; [|done]. intros Ht.
    destruct (IH _ Ht) as [-> Hf]. split; [lia|]. constructor; [|done]. split; [done|].
    by apply Bool.eqb_prop.
Qed.

(** Changing the class of reservations moves their bytes between the two
    accounts of the budget. *)
Lemma held_set_class b temp own hs rs : NoDup hs -> all_in b temp own hs rs ->
  forall b' temp', held (set_class (negb temp) hs own) b' temp'
    = held own b' temp' + (if decide (b' = b) then (if Bool.eqb temp' temp then - sum_bytes rs else sum_bytes rs) else 0).
Proof.
  intros Hnd [Hl Hc] b' temp'. revert Hnd Hc. induction Hl as [|h r hs rs Hr Hl IH]; intros Hnd Hc; simpl.
  { case_decide; [|lia]. destruct (Bool.eqb _ _); lia. }
  inversion Hnd as [|? ? Hni Hnd']; subst. inversion Hc as [|? ? [Hb Ht] Hc']; subst.
  assert (set_class (negb (is_temporary r)) hs own !! h = Some r) as Hh.
  { rewrite set_class_lookup, decide_False; by rewrite ?Hr. }
  unfold held in *. rewrite (map_sum_alter _ _ _ _ _ Hh), IH by done.
  rewrite !in_account_cases. simpl. destruct (decide (b' = budget r)) as [->|]; [|repeat case_decide; naive_solver lia].
  destruct temp', (is_temporary r); simpl; repeat case_decide; naive_solver lia.
Qed.

Lemma all_in_disjoint b temp own ps ds rs c : (forall h, h ∈ ps -> h ∉ ds) ->
  all_in b temp own ps rs -> all_in b temp (set_class c ds own) ps rs.
Proof.
  intros Hd [Hl Hc]. split; [|done]. clear Hc. induction Hl as [|h r ps rs Hr Hl IH]; constructor.
  - rewrite set_class_lookup, decide_False by (apply Hd; set_solver). by rewrite Hr.
  - apply IH. intros h' Hh'. apply Hd. set_solver.
Qed.

Lemma sum_bytes_nonneg w own hs rs : ok w own -> Forall2 (fun h r => own !! h = Some r) hs rs ->
  0 <= sum_bytes rs.
Proof.
  intros Hok. induction 1 as [|h r hs rs Hr Hl IH]; simpl; [done|].
  destruct (ok_owned _ _ Hok h r Hr). lia.
Qed.

Lemma total_of_Err b temp rs acc e : total_of b temp acc rs = Err e -> e = EIO \/ e = ENOMEM.
Proof.
  revert acc. induction rs as [|r rs IH]; intros acc; simpl; [done|].
  destruct (_ || _); [intros [= <-]; auto|]. split_checked H1; simpl; [apply IH|intros [= <-]; auto].
Qed.

(** Promoting and demoting moves bytes between the two counters and never
    changes the total, so the tracker does not move. *)
Lemma exchange_spec w own b ps ds prs drs : ok w own -> is_Some (budgets w !! b) ->
  NoDup (ps ++ ds) ->
  Forall2 (fun h r => own !! h = Some r) ps prs -> Forall2 (fun h r => own !! h = Some r) ds drs ->
  exists w' r, exchange b prs drs w = Some (w', r) /\
  match r with
  | Ok (prs', drs') => prs' = map (with_temporary false) prs /\ drs' = map (with_temporary true) drs
      /\ ok w' (set_class false ps (set_class true ds own)) /\ trackers w' = trackers w
  | Err e => w' = w /\ (e = EIO \/ e = ENOMEM)
  end.
Proof.
  intros Hok [bd Hb] Hnd Hps Hds. unfold exchange.
  destruct (total_of b true 0 prs) as [promoted|e] eqn:Ep.
  2:{ rewrite (bind_err _ _ w w e) by done. eexists _, _. split; [done|]. split; [done|by eapply total_of_Err]. }
  rewrite (bind_ok _ _ w w promoted) by done.
  destruct (total_of b false 0 drs) as [demoted|e] eqn:Ed.
  2:{ rewrite (bind_err _ _ w w e) by done. eexists _, _. split; [done|]. split; [done|by eapply total_of_Err]. }
  rewrite (bind_ok _ _ w w demoted) by done. rewrite (bind_lock b bd) by done. cbv zeta.
  apply total_of_Ok in Ep as [Ep Hpc]. apply total_of_Ok in Ed as [Ed Hdc].
  set (s := state bd) in *.
  rewrite bind_ok_or. split_checked H1; [|eexists _, _; split; [done|]; simpl; by auto].
  rewrite bind_ok_or. split_checked H2; [|eexists _, _; split; [done|]; simpl; by auto].
  rewrite bind_ok_or. split_checked H3; [|eexists _, _; split; [done|]; simpl; by auto].
  rewrite bind_ok_or. split_checked H4; [|eexists _, _; split; [done|]; simpl; by auto].
  rewrite bind_ok_or. split_checked H5; [|eexists _, _; split; [done|]; simpl; by auto].
  destruct (_ || _) eqn:E6; to_prop; [eexists _, _; split; [done|]; simpl; by auto|].
  rewrite bind_unwrap. unfold s. rewrite (usage_ok w own b bd Hok Hb). fold s.
  apply NoDup_app in Hnd as (Hn1 & Hdis & Hn2).
  pose proof (sum_bytes_nonneg w own ps prs Hok Hps). pose proof (sum_bytes_nonneg w own ds drs Hok Hds).
  assert (all_in b false own ds drs) as Hdi by done.
  assert (all_in b true (set_class true ds own) ps prs) as Hpi by (by apply all_in_disjoint).
  pose proof (ok_exact _ _ Hok b bd) as Hex. pose proof (ok_state _ _ Hok b bd Hb) as [S1 S2 S3 _]. fold s in Hex, S1, S2, S3.
  destruct (record_spec w own (set_class false ps (set_class true ds own)) b bd
    (set_counter true (set_counter false s (used s - demoted + promoted)) (temporary s - promoted + demoted)))
    as (w' & Hw & Hok' & _ & Htr); [done|done| | | |].
  - unfold fits. simpl. fold s. lia.
  - intros b' temp'. rewrite (held_set_class b true _ _ _ Hn1 Hpi), (held_set_class b false _ _ _ Hn2 Hdi).
    case_decide; [subst b'|lia]. rewrite <- (Hex temp' Hb). destruct temp'; simpl; lia.
  - intros h r. rewrite !set_class_lookup. destruct (own !! h) as [r0|] eqn:Hr; [|done].
    destruct (ok_owned _ _ Hok h r0 Hr). simpl. intros [= <-]. repeat case_decide; done.
  - eexists w', (Ok _). unfold op_bind. fold s in Hw, Htr. rewrite Hw. split; [done|]. split_and!; [done|done|done|].
    apply Htr. simpl. lia.
Qed.

(** ** Buffers that pay for their capacity *)

(** An early return of a constructor gives the whole reservation back. *)
Lemma drop_fresh w own h r {A} (e : Errno) : own !! h = None -> ok w (<[h := r]> own) ->
  exists w', (do! _ <- drop_reservation r; op_err e : op World A) w = Some (w', Err e) /\ ok w' own.
Proof.
  intros Hh Hok. destruct (drop_spec w _ h r Hok (lookup_insert_eq _ _ _)) as (w' & Hw & Hok').
  rewrite delete_insert_id in Hok' by done. exists w'. split; [|done]. by rewrite (bind_ok _ _ w w' tt).
Qed.

Lemma copy_from_spec alloc w own b source : ok w own -> is_Some (budgets w !! b) ->
  (forall n c, alloc n = Some c -> n <= c) ->
  exists w' r, copy_from alloc b source w = Some (w', r) /\
  match r with
  | Ok mb => contents mb = source /\ 2 * lenZ source <= bytes (reservation mb)
      /\ forall h, own !! h = None -> ok w' (<[h := reservation mb]> own)
  | Err e => e = ENOMEM /\ ok w' own
  end.
Proof.
  intros Hok [bd Hb] Halloc. unfold copy_from. rewrite bind_ok_or. split_checked H1; [|by eexists _, _].
  destruct (reserve_spec w own b bd false (lenZ source * 2) Hok Hb ltac:(lia)) as (w1 & [r|e] & Hr & Hres).
  2:{ destruct Hres as (-> & -> & _). erewrite bind_err by done. by eexists _, _. }
  erewrite bind_ok by done. destruct Hres as (-> & _ & _ & Hok1 & _).
  set (r := mkReservation b (lenZ source * 2) false) in *.
  assert (forall h, own !! h = None -> exists w2, (do! _ <- drop_reservation r; op_err ENOMEM : op World MetadataBytes) w1
    = Some (w2, Err ENOMEM) /\ ok w2 own) as Hdrop by (intros h Hh; by eapply drop_fresh, Hok1).
  assert (own !! fresh (dom own) = None) as Hf by apply not_elem_of_dom, is_fresh.
  destruct (Hdrop _ Hf) as (w2 & Hw2 & Hok2).
  unfold or_drop at 1, op_match, op_lift. destruct (alloc (lenZ source)) as [c|] eqn:Ec; simpl ok_or; cbv iota beta.
  2:{ rewrite Hw2. by eexists _, _. }
  unfold or_drop at 1, op_match, op_lift. split_checked H2; simpl ok_or; cbv iota beta.
  2:{ rewrite Hw2. by eexists _, _. }
  unfold or_drop, op_match. pose proof (Halloc _ _ Ec).
  assert (forall h, own !! h = None -> exists w' res, resize r (c * 2) w1 = Some (w', res) /\
    match res with
    | Ok r' => r' = mkReservation b (c * 2) false /\ ok w' (<[h := r']> own)
    | Err e => w' = w1 /\ e = ENOMEM
    end) as Hresize.
  { intros h Hh. destruct (resize_spec w1 (<[h := r]> own) h r (c * 2) (Hok1 h Hh)) as (w' & res & E & Hm);
      [apply lookup_insert_eq|lia|]. exists w', res. split; [done|]. destruct res; [|done].
    by rewrite insert_insert_eq in Hm. }
  destruct (Hresize _ Hf) as (w3 & [r'|e] & Er & Hm); rewrite Er.
  - destruct Hm as [-> _]. eexists _, _. split; [done|]. split_and!; [done|simpl; lia|].
    intros h Hh. destruct (Hresize h Hh) as (w4 & res & E & Hm'). rewrite Er in E. injection E as <- <-. apply Hm'.
  - destruct Hm as [-> ->]. rewrite Hw2. by eexists _, _.
Qed.

(** ** Runs *)

Abbreviation Owned := (gmap Z MetadataReservation).

(** One operation of a program that owns its reservations. Only the results
    that the caller sees differ between the constructors: a refusal keeps the
    reservations it was given. *)
Inductive step : World * Owned -> World * Owned -> Prop :=
  | step_reserve w own temp b n h w' r : is_Some (budgets w !! b) -> 0 <= n -> own !! h = None ->
      reserve temp b n w = Some (w', Ok r) -> step (w, own) (w', <[h := r]> own)
  | step_reserve_refused w own temp b n w' e : is_Some (budgets w !! b) -> 0 <= n ->
      reserve temp b n w = Some (w', Err e) -> step (w, own) (w', own)
  | step_empty w own b h : is_Some (budgets w !! b) -> own !! h = None ->
      step (w, own) (w, <[h := empty b]> own)
  | step_split w own h h' r n r1 r2 : own !! h = Some r -> own !! h' = None -> 0 <= n ->
      split r n = Some (r1, r2) -> step (w, own) (w, <[h' := r2]> (<[h := r1]> own))
  | step_merge w own h h' r other r' : own !! h = Some r -> own !! h' = Some other -> h <> h' ->
      merge r other = Some r' -> step (w, own) (w, <[h := r']> (delete h' own))
  | step_resize w own h r n w' res : own !! h = Some r -> 0 <= n -> resize r n w = Some (w', res) ->
      step (w, own) (w', match res with Ok r' => <[h := r']> own | Err _ => own end)
  | step_drop w own h r w' : own !! h = Some r -> drop_reservation r w = Some (w', Ok tt) ->
      step (w, own) (w', delete h own)
  | step_exchange w own b ps ds prs drs w' res : is_Some (budgets w !! b) -> NoDup (ps ++ ds) ->
      Forall2 (fun h r => own !! h = Some r) ps prs -> Forall2 (fun h r => own !! h = Some r) ds drs ->
      exchange b prs drs w = Some (w', res) ->
      step (w, own) (w', match res with Ok _ => set_class false ps (set_class true ds own) | Err _ => own end)
  | step_set_limit w own b lim w' res : is_Some (budgets w !! b) -> set_limit b lim w = Some (w', res) ->
      step (w, own) (w', own)
  | step_copy_from w own alloc b source h w' res : is_Some (budgets w !! b) ->
      (forall n c, alloc n = Some c -> n <= c) -> own !! h = None ->
      copy_from alloc b source w = Some (w', res) ->
      step (w, own) (w', match res with Ok mb => <[h := reservation mb]> own | Err _ => own end).

(** No byte is admitted yet. *)
Record fresh_world (w : World) : Prop := {
  fw_budget b bd : budgets w !! b = Some bd -> 0 <= limit (state bd) /\ state bd = state (new (limit (state bd)));
  fw_tracker t st : trackers w !! t = Some st -> st = (0, 0);
  fw_reference b bd t : budgets w !! b = Some bd -> tracker bd = Some t -> is_Some (trackers w !! t);
  fw_size : Z.of_nat (size (budgets w)) <= usize_max;
}.

Lemma map_sum_zero {A} (f : A -> Z) (m : gmap Z A) : (forall k x, m !! k = Some x -> f x = 0) -> map_sum f m = 0.
Proof.
  intros H. pose proof (map_sum_bounds f m 0) as Hb. destruct Hb as [H1 H2]; [|lia].
  intros k x Hx. rewrite (H k x Hx). lia.
Qed.

Lemma fresh_world_ok w : fresh_world w -> ok w ∅.
Proof.
  intros [H1 H2 H3 H4]. split; try done.
  - intros b bd Hb. destruct (H1 b bd Hb) as [Hl ->]. split; simpl; unfold saturating_mul, usize_max, u32_max; lia.
  - intros b bd temp Hb. destruct (H1 b bd Hb) as [Hl ->]. unfold held. rewrite map_sum_empty. by destruct temp.
  - intros t st Ht. rewrite (H2 t st Ht). simpl. split; [|lia]. symmetry. apply map_sum_zero.
    intros b bd Hb. unfold in_tracker. destruct (H1 b bd Hb) as [_ ->]. by case_bool_decide.
Qed.

Lemma step_ok x y : step x y -> ok (fst x) (snd x) -> ok (fst y) (snd y).
Proof.
  destruct 1 as [w own temp b n h w' r [bd Hb] Hn Hh E|w own temp b n w' e [bd Hb] Hn E|w own b h [bd Hb] Hh
    |w own h h' r n r1 r2 Hr Hh Hn E|w own h h' r other r' Hr Ho Hne E|w own h r n w' res Hr Hn E
    |w own h r w' Hr E|w own b ps ds prs drs w' res Hb Hnd Hp Hd E|w own b lim w' res [bd Hb] E
    |w own alloc b source h w' res Hb Ha Hh E]; simpl; intros Hok.
  - destruct (reserve_spec w own b bd temp n Hok Hb Hn) as (w2 & r2 & E2 & H). rewrite E2 in E. simplify_eq.
    destruct H as (_ & _ & _ & H & _). by apply H.
  - destruct (reserve_spec w own b bd temp n Hok Hb Hn) as (w2 & r2 & E2 & H). rewrite E2 in E. simplify_eq.
    by destruct H as (-> & _).
  - apply (own_ok w own); [done| |].
    + intros b' temp. unfold held. rewrite map_sum_insert by done. rewrite in_account_cases. simpl. case_decide; lia.
    + intros k x [[<- <-]|[_ Hx]]%lookup_insert_Some; [by split; eauto|by eapply ok_owned].
  - assert (n <= bytes r) as Hle. { unfold split in E. revert E. split_checked H1; done. }
    destruct (split_spec w own h h' r n Hok Hr Hh) as (q1 & q2 & E2 & _ & H); [done|]. rewrite E2 in E. by simplify_eq.
  - assert (budget r = budget other /\ is_temporary r = is_temporary other) as [Eb Et].
    { unfold merge in E. destruct (_ && _) eqn:E1; [|done]. to_prop. split; [done|by apply Bool.eqb_prop]. }
    destruct (merge_spec w own h h' r other Hok Hr Ho Hne Eb Et) as (q & E2 & _ & H). congruence.
  - destruct (resize_spec w own h r n Hok Hr Hn) as (w2 & r2 & E2 & H). rewrite E2 in E. simplify_eq.
    destruct res; [by destruct H as [-> H]|by destruct H as [-> _]].
  - destruct (drop_spec w own h r Hok Hr) as (w2 & E2 & H). congruence.
  - destruct (exchange_spec w own b ps ds prs drs Hok Hb Hnd Hp Hd) as (w2 & r2 & E2 & H). rewrite E2 in E. simplify_eq.
    destruct res as [[p q]|]; [by destruct H as (_ & _ & H & _)|by destruct H as [-> _]].
  - destruct (set_limit_spec w own b bd lim Hok Hb) as (w2 & r2 & E2 & H). rewrite E2 in E. simplify_eq.
    destruct res; [by destruct H|by destruct H as [-> _]].
  - destruct (copy_from_spec alloc w own b source Hok Hb Ha) as (w2 & r2 & E2 & H). rewrite E2 in E. simplify_eq.
    destruct res; [destruct H as (_ & _ & H); by apply H|by destruct H].
Qed.

Lemma run_ok w0 w own : fresh_world w0 -> rtc step (w0, ∅) (w, own) -> ok w own.
Proof.
  intros H0 H. assert (ok (fst (w0, ∅ : Owned)) (snd (w0, ∅ : Owned))) as Hok by (by apply fresh_world_ok).
  remember (w0, ∅ : Owned) as x eqn:Ex. remember (w, own) as y eqn:Ey. clear Ex.
  induction H as [x|x y z Hxy _ IH]; subst; [done|]. apply IH; [done|]. by eapply step_ok.
Qed.

(** C18. Exact accounting. Whatever a program does with the budgets and the
    reservations it owns, each counter of a budget is the sum of the owned
    reservations of its class and within its bound, and each tracker is the
    sum of what its budgets admitted; once the program owns nothing, every
    counter and every tracker is back to zero. *)
Theorem budget_accounting_exact w0 w own : fresh_world w0 -> rtc step (w0, ∅) (w, own) ->
  (forall b bd temp, budgets w !! b = Some bd ->
     counter temp (state bd) = held own b temp /\ 0 <= counter temp (state bd) <= bound temp (state bd))
  /\ (forall t st, trackers w !! t = Some st -> fst st = admitted w t /\ fst st <= snd st)
  /\ (own = ∅ -> (forall b bd, budgets w !! b = Some bd -> used (state bd) = 0 /\ temporary (state bd) = 0)
      /\ forall t st, trackers w !! t = Some st -> fst st = 0).
Proof.
  intros H0 H. pose proof (run_ok _ _ _ H0 H) as Hok. split_and!.
  - intros b bd temp Hb. destruct (ok_state _ _ Hok b bd Hb) as [S1 S2 _ _].
    split; [by eapply ok_exact|]. destruct temp; simpl; lia.
  - apply (ok_tracker _ _ Hok).
  - intros ->.
    assert (forall b bd, budgets w !! b = Some bd -> used (state bd) = 0 /\ temporary (state bd) = 0) as Hz.
    { intros b bd Hb. pose proof (ok_exact _ _ Hok b bd false Hb) as E1.
      pose proof (ok_exact _ _ Hok b bd true Hb) as E2. unfold held in *. rewrite map_sum_empty in *. done. }
    split; [done|]. intros t st Ht. rewrite (proj1 (ok_tracker _ _ Hok t st Ht)). apply map_sum_zero.
    intros b bd Hb. unfold in_tracker. destruct (Hz b bd Hb). case_bool_decide; lia.
Qed.

(** A world with one tracked budget of 100 bytes, after a live reservation of
    60 and a temporary one of 150. *)
Definition witness_world : World := mkWorld {[1 := tracked 100 7]} {[7 := (0, 0)]}.
Definition witness_run : option (World * Owned) :=
  match reserve false 1 60 witness_world with
  | Some (w1, Ok r1) =>
      match reserve true 1 150 w1 with
      | Some (w2, Ok r2) => Some (w2, <[2 := r2]> (<[1 := r1]> ∅))
      | _ => None
      end
  | _ => None
  end.
Definition witness_end : World * Owned :=
  match witness_run with Some x => x | None => (witness_world, ∅) end.

Lemma witness_world_fresh : fresh_world witness_world.
Proof.
  split; simpl.
  - intros b bd [<- <-]%lookup_singleton_Some. simpl. by split.
  - by intros t st [<- <-]%lookup_singleton_Some.
  - intros b bd t [<- <-]%lookup_singleton_Some. simpl. intros [= <-]. rewrite lookup_singleton_eq. eauto.
  - rewrite map_size_singleton. done.
Qed.

Lemma witness_end_reachable : rtc step (witness_world, ∅) (fst witness_end, snd witness_end).
Proof.
  eapply rtc_l.
  - eapply (step_reserve _ _ false 1 60 1); [by vm_compute; eauto|lia|done|vm_compute; reflexivity].
  - apply rtc_once. apply (step_reserve _ _ true 1 150 2); [by vm_compute; eauto|lia|done|vm_compute; reflexivity].
Qed.

Lemma budget_accounting_exact_witness :
  (fst <$> trackers (fst witness_end) !! 7) = Some 210
  /\ forall t st, trackers (fst witness_end) !! t = Some st -> fst st = admitted (fst witness_end) t /\ fst st <= snd st.
Proof.
  split; [vm_compute; reflexivity|].
  apply (budget_accounting_exact witness_world (fst witness_end) (snd witness_end) witness_world_fresh
    witness_end_reachable).
Defined.

(** No panic. In every reachable state no method panics: not the drop or
    the resize of an owned reservation (whose account always holds it, so
    [resize] never reports EIO either), not a reservation, an exchange of
    distinct owned reservations or a change of the limit, nor a split within
    the reservation, nor the merge of two reservations of one class. *)
Theorem budget_methods_never_panic w0 w own : fresh_world w0 -> rtc step (w0, ∅) (w, own) ->
  (forall h r, own !! h = Some r -> drop_reservation r w <> None
     /\ (forall n, 0 <= n -> exists w' res, resize r n w = Some (w', res) /\ res <> Err EIO)
     /\ (forall n, 0 <= n <= bytes r -> split r n <> None)
     /\ forall h' r', own !! h' = Some r' -> h <> h' -> budget r = budget r' ->
          is_temporary r = is_temporary r' -> merge r r' <> None)
  /\ forall b, is_Some (budgets w !! b) ->
     (forall temp n, 0 <= n -> reserve temp b n w <> None)
     /\ (forall lim, set_limit b lim w <> None)
     /\ forall ps ds prs drs, NoDup (ps ++ ds) ->
          Forall2 (fun h r => own !! h = Some r) ps prs -> Forall2 (fun h r => own !! h = Some r) ds drs ->
          exchange b prs drs w <> None.
Proof.
  intros H0 H. pose proof (run_ok _ _ _ H0 H) as Hok. split.
  - intros h r Hr. split_and!.
    + destruct (drop_spec w own h r Hok Hr) as (w' & -> & _). done.
    + intros n Hn. destruct (resize_spec w own h r n Hok Hr Hn) as (w' & res & E & Hres).
      exists w', res. split; [done|]. destruct res; [done|]. by destruct Hres as [_ ->].
    + intros n Hn. unfold split. split_checked H1; [done|lia].
    + intros h' r' Hr' Hne Eb Et. by destruct (merge_spec w own h h' r r' Hok Hr Hr' Hne Eb Et) as (q & -> & _).
  - intros b [bd Hb]. split_and!.
    + intros temp n Hn. by destruct (reserve_spec w own b bd temp n Hok Hb Hn) as (w' & r & -> & _).
    + intros lim. by destruct (set_limit_spec w own b bd lim Hok Hb) as (w' & r & -> & _).
    + intros ps ds prs drs Hnd Hp Hd.
      by destruct (exchange_spec w own b ps ds prs drs Hok ltac:(eauto) Hnd Hp Hd) as (w' & r & -> & _).
Qed.

Lemma budget_methods_never_panic_witness :
  snd witness_end !! 1 = Some (mkReservation 1 60 false)
  /\ drop_reservation (mkReservation 1 60 false) (fst witness_end) <> None.
Proof.
  split; [vm_compute; reflexivity|].
  apply (proj1 (budget_methods_never_panic witness_world (fst witness_end) (snd witness_end)
    witness_world_fresh witness_end_reachable) 1). vm_compute. reflexivity.
Defined.

(** Admission. In every reachable state a reservation is granted exactly
    when its class stays within its bound (the limit for live bytes, twice
    the limit for temporary ones) and the total fits a [usize]; otherwise it is
    ENOMEM and the world is unchanged. Granting adds exactly the requested
    bytes to that counter and leaves every other budget alone. *)
Theorem reserve_admits_iff_fits w0 w own b bd temp n : fresh_world w0 -> rtc step (w0, ∅) (w, own) ->
  budgets w !! b = Some bd -> 0 <= n ->
  let s := state bd in
  let room := counter temp s + n <= bound temp s /\ used s + temporary s + n <= usize_max in
  (room -> exists w', reserve temp b n w = Some (w', Ok (mkReservation b n temp))
     /\ account w' b = Some (limit s, used s + (if temp then 0 else n), temporary s + (if temp then n else 0))
     /\ forall b', b' <> b -> budgets w' !! b' = budgets w !! b')
  /\ (~ room -> reserve temp b n w = Some (w, Err ENOMEM)).
Proof.
  intros H0 H Hb Hn s room. pose proof (run_ok _ _ _ H0 H) as Hok.
  destruct (reserve_spec w own b bd temp n Hok Hb Hn) as (w' & [r|e] & -> & Hr); fold s in Hr; split; intros Hroom.
  - destruct Hr as (-> & _ & _ & _ & Hacc & Hf & _). exists w'. split; [done|]. split; [|done].
    rewrite Hacc. destruct temp; simpl; rewrite Z.add_0_r; done.
  - destruct Hr as (_ & ? & ? & _). by destruct Hroom.
  - destruct Hr as (_ & _ & Hno), Hroom. lia.
  - by destruct Hr as (-> & -> & _).
Qed.

Lemma reserve_admits_iff_fits_witness :
  reserve false 1 41 (fst witness_end) = Some (fst witness_end, Err ENOMEM).
Proof.
  destruct (budgets (fst witness_end) !! 1) as [bd|] eqn:Hb; [|by vm_compute in Hb].
  apply (reserve_admits_iff_fits witness_world (fst witness_end) (snd witness_end) 1 bd false 41
    witness_world_fresh witness_end_reachable Hb); [lia|].
  vm_compute in Hb. injection Hb as <-. simpl. lia.
Defined.

(** Exchange. In every reachable state promoting temporary reservations
    and demoting live ones either fails with EIO or ENOMEM and changes
    nothing, or changes the class of exactly the reservations named, keeps the
    accounting exact and leaves every tracker where it was: no byte is
    admitted or released on the way. *)
Theorem exchange_moves_no_bytes w0 w own b ps ds prs drs : fresh_world w0 -> rtc step (w0, ∅) (w, own) ->
  is_Some (budgets w !! b) -> NoDup (ps ++ ds) ->
  Forall2 (fun h r => own !! h = Some r) ps prs -> Forall2 (fun h r => own !! h = Some r) ds drs ->
  exists w' r, exchange b prs drs w = Some (w', r) /\
  match r with
  | Ok (prs', drs') => prs' = map (with_temporary false) prs /\ drs' = map (with_temporary true) drs
      /\ ok w' (set_class false ps (set_class true ds own)) /\ trackers w' = trackers w
  | Err e => w' = w /\ (e = EIO \/ e = ENOMEM)
  end.
Proof. intros H0 H. apply exchange_spec. by apply (run_ok w0). Qed.

Lemma exchange_moves_no_bytes_witness :
  exists w' r, exchange 1 [mkReservation 1 150 true] [mkReservation 1 60 false] (fst witness_end) = Some (w', r)
  /\ r = Err ENOMEM /\ w' = fst witness_end.
Proof.
  destruct (exchange_moves_no_bytes witness_world (fst witness_end) (snd witness_end) 1 [2] [1]
    [mkReservation 1 150 true] [mkReservation 1 60 false] witness_world_fresh witness_end_reachable)
    as (w' & r & E & Hr).
  - vm_compute. eauto.
  - apply (bool_decide_unpack _). vm_compute. reflexivity.
  - repeat constructor.
  - repeat constructor.
  - exists w', r. split; [exact E|]. assert (r = Err ENOMEM) as -> by (vm_compute in E; congruence).
    split; [reflexivity|]. apply Hr.
Defined.
