(* ===== verification/IoBuffer.v ===== *)
(** * Admitted I/O buffers (crates/runtime-core/src/io_buffer.rs)

    [IoBuffer] is a vector that never grows behind the caller's back: memory
    is admitted against a byte budget and allocated by an explicit reservation,
    and a push, insert, resize or extension beyond the admitted capacity
    panics. The budget and the global allocator are the arguments
    [budget_reserve], [allocate] and [budget_resize] of the reserving
    operations. *)

From S2P Require Import Prelude.

Record IoBuffer (Value : Type) : Type := mkIoBuffer {
  values : list Value;
  capacity : Z;      (** [Vec::capacity] *)
}.
Arguments mkIoBuffer {Value} values capacity.
Arguments values {Value} _.
Arguments capacity {Value} _.

(** What one reservation sees of the budget and of the allocator. *)
Record Memory : Type := mkMemory {
  budget_reserve : Z -> bool;   (** [budget.reserve(bytes)], refused with ENOMEM *)
  allocate : Z -> option Z;     (** capacity of a fresh [Vec] asked for so many slots *)
  budget_resize : Z -> bool;    (** [replacement.resize(actual)], refused with ENOMEM *)
}.

Section Buffer.
Context {Value : Type}.
Variable size_of_value : Z.          (** [core::mem::size_of::<Value>()] *)

Definition new : IoBuffer Value := mkIoBuffer [] 0.

Definition len (b : IoBuffer Value) : Z := lenZ (values b).

Definition admitted_bytes (capacity : Z) : result Z :=
  ok_or (match checked_mul usize_max capacity size_of_value with
         | Some bytes => checked_mul usize_max bytes 2
         | None => None
         end) ENOMEM.

Definition reserve_with (mem : Memory) (want : Z) : op (IoBuffer Value) unit := fun b =>
  if want <=? capacity b then Some (b, Ok tt)
  else Some
    (let? bytes := admitted_bytes want orelse b in
     if negb (budget_reserve mem bytes) then (b, Err ENOMEM)
     else
     let? actual := ok_or (allocate mem want) ENOMEM orelse b in
     if actual <? want then (b, Err EIO)
     else
       let? actual_bytes := admitted_bytes actual orelse b in
       if negb (budget_resize mem actual_bytes) then (b, Err ENOMEM)
       else (mkIoBuffer (values b) actual, Ok tt)).

(** [try_reserve_exact], [try_reserve]: the second retries with the exact
    length when doubling is refused. *)
Definition try_reserve_exact (mem : Memory) (additional : Z) : op (IoBuffer Value) unit :=
  do! n <- op_get len;
  do! want <- op_lift (ok_or (checked_add usize_max n additional) ENOMEM);
  reserve_with mem want.

Definition try_reserve (mem : Memory) (additional : Z) : op (IoBuffer Value) unit :=
  do! n <- op_get len;
  do! length <- op_lift (ok_or (checked_add usize_max n additional) ENOMEM);
  do! cap <- op_get capacity;
  if length <=? cap then op_ret tt
  else
    let want := Z.max (Z.max length (saturating_mul usize_max cap 2)) 4 in
    op_match (reserve_with mem want) op_ret (fun _ => reserve_with mem length).

Definition push (value : Value) : op (IoBuffer Value) unit := fun b =>
  if len b <? capacity b then Some (mkIoBuffer (values b ++ [value]) (capacity b), Ok tt)
  else None.

Definition try_push (mem : Memory) (value : Value) : op (IoBuffer Value) unit := fun b =>
  (do! _ <- (if len b =? capacity b
             then
               do! doubled <- op_lift (ok_or (checked_mul usize_max (capacity b) 2) ENOMEM);
               reserve_with mem (Z.max doubled 4)
             else op_ret tt);
   push value) b.

(** [Vec::insert] panics past the end. *)
Definition insert (index : nat) (value : Value) : op (IoBuffer Value) unit := fun b =>
  if (len b <? capacity b) && bool_decide (index <= length (values b))%nat
  then Some (mkIoBuffer (insert_at index value (values b)) (capacity b), Ok tt)
  else None.

Definition resize_list (n : nat) (value : Value) (l : list Value) : list Value :=
  take n l ++ replicate (n - length l) value.

Definition resize (n : Z) (value : Value) : op (IoBuffer Value) unit := fun b =>
  if n <=? capacity b
  then Some (mkIoBuffer (resize_list (Z.to_nat n) value (values b)) (capacity b), Ok tt)
  else None.

Definition extend_from_slice (vs : list Value) : op (IoBuffer Value) unit := fun b =>
  if lenZ vs <=? capacity b - len b
  then Some (mkIoBuffer (values b ++ vs) (capacity b), Ok tt)
  else None.

Definition truncate (n : nat) (b : IoBuffer Value) : IoBuffer Value :=
  mkIoBuffer (take n (values b)) (capacity b).

Definition clear (b : IoBuffer Value) : IoBuffer Value := mkIoBuffer [] (capacity b).

(** [IoDeque] is a ring buffer under the same admission; it has the
    operations of a queue. Unlike [reserve_with] its [reserve_capacity] does
    not check what the allocator returned. *)
Definition reserve_capacity (mem : Memory) (want : Z) : op (IoBuffer Value) unit := fun b =>
  Some
    (let? bytes := admitted_bytes want orelse b in
     if negb (budget_reserve mem bytes) then (b, Err ENOMEM)
     else
     let? actual := ok_or (allocate mem want) ENOMEM orelse b in
     let? actual_bytes := admitted_bytes actual orelse b in
     if negb (budget_resize mem actual_bytes) then (b, Err ENOMEM)
     else (mkIoBuffer (values b) actual, Ok tt)).

Definition deque_try_reserve (mem : Memory) (additional : Z) : op (IoBuffer Value) unit :=
  do! n <- op_get len;
  do! length <- op_lift (ok_or (checked_add usize_max n additional) ENOMEM);
  do! cap <- op_get capacity;
  if length <=? cap then op_ret tt
  else
    let want := Z.max (Z.max length (saturating_mul usize_max cap 2)) 4 in
    op_match (reserve_capacity mem want) op_ret (fun _ => reserve_capacity mem length).

Definition pop_front (b : IoBuffer Value) : IoBuffer Value * option Value :=
  match values b with
  | [] => (b, None)
  | v :: vs => (mkIoBuffer vs (capacity b), Some v)
  end.

(** A constructor: build a buffer by a method and return it. *)
Definition build (m : op (IoBuffer Value) unit) : option (result (IoBuffer Value)) :=
  match m new with
  | Some (b, Ok _) => Some (Ok b)
  | Some (_, Err e) => Some (Err e)
  | None => None
  end.

Definition try_with_capacity (mem : Memory) (n : Z) : option (result (IoBuffer Value)) :=
  build (try_reserve_exact mem n).

Definition try_filled (mem : Memory) (n : Z) (value : Value)
    : option (result (IoBuffer Value)) :=
  build (do! _ <- try_reserve_exact mem n; resize n value).

Definition copy_from (mem : Memory) (vs : list Value) : option (result (IoBuffer Value)) :=
  build (do! _ <- try_reserve_exact mem (lenZ vs); extend_from_slice vs).

(** [allocate]: a fresh buffer of a known capacity. *)
Definition allocate_io (mem : Memory) (want : Z) : result (IoBuffer Value) :=
  let? bytes := admitted_bytes want in
  if negb (budget_reserve mem bytes) then Err ENOMEM
  else
  let? actual := ok_or (allocate mem want) ENOMEM in
  if actual <? want then Err EIO
  else
    let? actual_bytes := admitted_bytes actual in
    if negb (budget_resize mem actual_bytes) then Err ENOMEM
    else Ok (mkIoBuffer [] actual).

(** The vector never holds more than was admitted. *)
Definition buf_ok (b : IoBuffer Value) : Prop := len b <= capacity b.

(** A reservation keeps the contents; when it succeeds the capacity asked
    for is there, when it fails the buffer is as it was. *)
Definition reserved (want : Z) (b b' : IoBuffer Value) (r : result unit) : Prop :=
  values b' = values b /\ capacity b <= capacity b'
  /\ (r = Ok tt -> want <= capacity b')
  /\ (forall e, r = Err e -> b' = b /\ (e = ENOMEM \/ e = EIO)).

Lemma reserve_with_spec mem want b :
  exists b' r, reserve_with mem want b = Some (b', r) /\ reserved want b b' r.
Proof.
  unfold reserve_with, reserved. destruct (Z.leb_spec want (capacity b)).
  { exists b, (Ok tt). by split_and!. }
  assert (forall e, e = ENOMEM \/ e = EIO -> values b = values b /\ capacity b <= capacity b
    /\ (@Err unit e = Ok tt -> want <= capacity b)
    /\ (forall e', @Err unit e = Err e' -> b = b /\ (e' = ENOMEM \/ e' = EIO))) as Herr.
  { intros e He. split_and!; [done..|]. intros e' [= <-]. done. }
  unfold admitted_bytes, ok_or.
  repeat case_match; simplify_eq/=; eauto 10. to_prop.
  eexists _, _. split; [done|]. split_and!; [done|simpl; lia|simpl; lia|done].
Qed.

Lemma reserved_ok want b b' r : buf_ok b -> reserved want b b' r -> buf_ok b'.
Proof. unfold buf_ok, len. intros H (-> & ? & _). lia. Qed.

Lemma length_resize_list n value l : length (resize_list n value l) = n.
Proof. unfold resize_list. rewrite length_app, length_take, length_replicate. lia. Qed.

Lemma resize_list_lookup n value l i : (length l <= n)%nat ->
  resize_list n value l !! i
  = if decide (i < length l)%nat then l !! i else if decide (i < n)%nat then Some value else None.
Proof.
  intros Hn. unfold resize_list. rewrite take_ge by done. case_decide.
  - by rewrite lookup_app_l.
  - rewrite lookup_app_r by lia. case_decide.
    + by rewrite lookup_replicate_2 by lia.
    + apply lookup_replicate_None. lia.
Qed.
End Buffer.

#[export] Hint Resolve reserved_ok : kandelo.

Section Theorems.
Context {Value : Type}.
Variable size : Z.

Lemma try_reserve_exact_spec mem n (b : IoBuffer Value) :
  exists b' r, try_reserve_exact size mem n b = Some (b', r) /\ reserved (len b + n) b b' r.
Proof.
  unfold try_reserve_exact, op_bind, op_get, op_lift, ok_or, checked_add.
  destruct (Z.leb_spec (len b + n) usize_max); [apply reserve_with_spec|].
  exists b, (Err ENOMEM). split; [done|]. split_and!; try done. intros ? [= <-]. auto.
Qed.

Lemma try_reserve_spec mem n (b : IoBuffer Value) :
  exists b' r, try_reserve size mem n b = Some (b', r) /\ reserved (len b + n) b b' r.
Proof.
  unfold try_reserve, op_bind, op_get, op_lift, ok_or, checked_add, op_match, op_ret.
  destruct (Z.leb_spec (len b + n) usize_max); [|by exists b, (Err ENOMEM); split; [done|]; split_and!; try done; intros ? [= <-]; auto].
  destruct (Z.leb_spec (len b + n) (capacity b)); [by exists b, (Ok tt); split_and!|].
  set (want := Z.max _ 4).
  destruct (reserve_with_spec size mem want b) as (b' & [[]|e] & -> & Hv & Hc & Hw & He).
  - exists b', (Ok tt). split; [done|]. specialize (Hw eq_refl). split_and!; [done|done|lia|done].
  - rewrite (proj1 (He e eq_refl)). apply reserve_with_spec.
Qed.

(** The standard library's promise about a successful [try_reserve_exact]. *)
Definition allocator_ok (mem : Memory) : Prop := forall n c, allocate mem n = Some c -> n <= c.

Lemma reserve_capacity_spec mem want (b : IoBuffer Value) : allocator_ok mem -> capacity b <= want ->
  exists b' r, reserve_capacity size mem want b = Some (b', r) /\ reserved want b b' r.
Proof.
  intros Hm Hc. unfold reserve_capacity, reserved.
  assert (forall e, e = ENOMEM \/ e = EIO -> values b = values b /\ capacity b <= capacity b
    /\ (@Err unit e = Ok tt -> want <= capacity b)
    /\ (forall e', @Err unit e = Err e' -> b = b /\ (e' = ENOMEM \/ e' = EIO))) as Herr.
  { intros e He. split_and!; [done..|]. intros e' [= <-]. done. }
  unfold admitted_bytes, ok_or.
  destruct (allocate mem want) as [actual|] eqn:Ea; repeat case_match; simplify_eq/=; eauto 10.
  specialize (Hm _ _ Ea). eexists _, _. split; [done|]. split_and!; [done|simpl; lia|simpl; lia|done].
Qed.

Lemma deque_try_reserve_spec mem n (b : IoBuffer Value) : allocator_ok mem ->
  exists b' r, deque_try_reserve size mem n b = Some (b', r) /\ reserved (len b + n) b b' r.
Proof.
  intros Hm. unfold deque_try_reserve, op_bind, op_get, op_lift, ok_or, checked_add, op_match, op_ret.
  destruct (Z.leb_spec (len b + n) usize_max); [|by exists b, (Err ENOMEM); split; [done|]; split_and!; try done; intros ? [= <-]; auto].
  destruct (Z.leb_spec (len b + n) (capacity b)); [by exists b, (Ok tt); split_and!|].
  set (want := Z.max _ 4).
  destruct (reserve_capacity_spec mem want b) as (b' & [[]|e] & -> & Hv & Hc & Hw & He); [done|lia| |].
  - exists b', (Ok tt). split; [done|]. specialize (Hw eq_refl). split_and!; [done|done|lia|done].
  - rewrite (proj1 (He e eq_refl)). apply reserve_capacity_spec; [done|lia].
Qed.

Lemma push_spec (v : Value) b : len b < capacity b ->
  push v b = Some (mkIoBuffer (values b ++ [v]) (capacity b), Ok tt)
  /\ buf_ok (mkIoBuffer (values b ++ [v]) (capacity b)).
Proof.
  intros H. unfold push, buf_ok, len in *. rewrite (proj2 (Z.ltb_lt _ _)) by done.
  split; [done|]. simpl. rewrite length_app. simpl. lia.
Qed.
End Theorems.

(** Admission never corrupts a buffer. [try_push] on a buffer within its
    admitted capacity never panics; it appends the value and stays within
    capacity, or reports an error and leaves the buffer exactly as it was. *)
Theorem try_push_total {Value} size mem (v : Value) b : buf_ok b ->
  exists b' r, try_push size mem v b = Some (b', r) /\ buf_ok b'
    /\ (r = Ok tt /\ values b' = values b ++ [v] \/ (exists e, r = Err e) /\ b' = b).
Proof.
  intros Hb. unfold try_push, op_bind, op_lift, op_ret, ok_or.
  destruct (Z.eqb_spec (len b) (capacity b)) as [Heq|Hne].
  - unfold checked_mul. destruct (Z.leb_spec (capacity b * 2) usize_max);
      [|by exists b, (Err ENOMEM); eauto 10].
    destruct (reserve_with_spec size mem (Z.max (capacity b * 2) 4) b)
      as (b' & [[]|e] & -> & Hv & Hc & Hw & He).
    + specialize (Hw eq_refl). unfold buf_ok, len in *.
      destruct (push_spec v b') as [-> Hok]; [unfold len; rewrite Hv; lia|].
      rewrite Hv in *. eauto 10.
    + rewrite (proj1 (He e eq_refl)). eauto 10.
  - destruct (push_spec v b) as [-> Hok]; [unfold buf_ok in Hb; lia|]. eauto 10.
Qed.

Definition witness_mem : Memory := mkMemory (fun _ => true) Some (fun _ => true).

Lemma try_push_total_witness :
  exists b' r, try_push 8 witness_mem 5 (mkIoBuffer [1; 2] 2) = Some (b', r) /\ buf_ok b'
    /\ (r = Ok tt /\ values b' = [1; 2] ++ [5] \/ (exists e, r = Err e) /\ b' = mkIoBuffer [1; 2] 2).
Proof. apply (try_push_total 8 witness_mem 5 (mkIoBuffer [1; 2] 2)). by vm_compute. Defined.

(** What a refused copy reports. *)
Lemma copy_from_errors {Value} size mem (vs : list Value) e : copy_from size mem vs = Some (Err e) -> e = ENOMEM \/ e = EIO.
Proof.
  unfold copy_from, build, op_bind, extend_from_slice.
  destruct (try_reserve_exact_spec size mem (lenZ vs) (@new Value)) as (b' & [[]|e'] & -> & _ & _ & _ & He).
  - by destruct (_ <=? _).
  - intros [= ->]. by destruct (He e eq_refl).
Qed.

(** The constructors do not panic: [copy_from] returns a buffer that holds
    the source, within its capacity, or an error. *)
Theorem copy_from_total {Value} size mem (vs : list Value) :
  exists r, copy_from size mem vs = Some r
    /\ forall b, r = Ok b -> values b = vs /\ buf_ok b.
Proof.
  unfold copy_from, build, op_bind, extend_from_slice.
  destruct (try_reserve_exact_spec size mem (lenZ vs) (@new Value)) as (b & [[]|e] & -> & Hv & _ & Hw & _).
  - specialize (Hw eq_refl). unfold buf_ok, len in *. rewrite Hv in *. simpl in *.
    rewrite (proj2 (Z.leb_le _ _)) by lia. eexists. split; [done|]. intros ? [= <-]. simpl. split; [done|lia].
  - eexists. split; [done|]. done.
Qed.
