(* ===== verification/Pipe.v ===== *)
(** * Pipe buffers (crates/runtime-core/src/pipe.rs)

    A [PipeBuffer] is a ring buffer with reference-counted ends, the batches of
    descriptors (SCM_RIGHTS) attached to exact byte ranges of the stream, the
    state of a named FIFO with its blocked opens, and the flags of a socket
    half. The fields of the source's structure are grouped in four records.

    Reads and writes of other components are events: a wakeup
    ([crate::wakeup::push]), an epoll notification and the drop of queued
    descriptors. A method runs on a [Pipe], the buffer with the events so far.
    Methods that can panic are in the monad [op]; the overflow of a plain [+]
    counts as a panic. [debug_assert!] is not part of the release build.

    Descriptors in transit have the abstract type [F] and the descriptor a
    blocked open holds ready the abstract type [D]; both belong to other
    components. The memory reservation of a buffer is the flag [reserved], and
    whether a reservation is granted an argument. *)

From S2P Require Import Prelude IoBuffer.

Definition PIPE_BUF : Z := 4096.
Definition DEFAULT_PIPE_CAPACITY : Z := 65536.
Definition O_RDONLY : Z := 0.
Definition O_WRONLY : Z := 1.
Definition O_RDWR : Z := 2.
Definition O_ACCMODE : Z := 3.
Definition O_PATH : Z := 2097152.

Inductive FifoOpenSide : Type := Reader | Writer.
#[global] Instance FifoOpenSide_eq_dec : EqDecision FifoOpenSide.
Proof. solve_decision. Defined.

Inductive InFlightPipeRefKind : Type := Path | Read (fifo_read_only : bool) | Write | ReadWrite.
#[global] Instance InFlightPipeRefKind_eq_dec : EqDecision InFlightPipeRefKind.
Proof. solve_decision. Defined.

(** [WAKE_READABLE] and [WAKE_WRITABLE]. *)
Inductive wake : Type := Readable | Writable.

Record FifoOpenWaiter (D : Type) : Type := mkWaiter {
  side : FifoOpenSide; path : list Z; status_flags : Z; fd_flags : Z; reserved_fd : Z;
  prepared_descriptor : option D; ready : bool }.
Arguments mkWaiter {D}. Arguments side {D}. Arguments path {D}. Arguments status_flags {D}.
Arguments fd_flags {D}. Arguments reserved_fd {D}. Arguments prepared_descriptor {D}. Arguments ready {D}.

(** One batch of descriptors, attached to the bytes [start] to [last], the last excluded. *)
Record StreamAncillary (F : Type) : Type := mkAncillary { start : Z; last : Z; fds : list F }.
Arguments mkAncillary {F}. Arguments start {F}. Arguments last {F}. Arguments fds {F}.

(** The bytes: [buf] is the vector, [head], [tail] and [len] delimit the
    bytes in it, [stream_position] is the sequence number of the byte at
    [head]. *)
Record Ring (F : Type) : Type := mkRing {
  buf : list Z; head : nat; tail : nat; len : nat; stream_position : Z;
  ancillary_fds : IoBuffer (StreamAncillary F) }.
Arguments mkRing {F}. Arguments buf {F}. Arguments head {F}. Arguments tail {F}. Arguments len {F}.
Arguments stream_position {F}. Arguments ancillary_fds {F}.

Record Ends : Type := mkEnds {
  read_count : Z; write_count : Z; in_flight_read_count : Z; in_flight_write_count : Z; orphaned_read : bool }.

Record Fifo (D : Type) : Type := mkFifo {
  is_fifo : bool; fifo_read_only_count : Z; fifo_writer_ever_opened : bool; fifo_read_hangup : bool;
  fifo_names : Z; fifo_path_refs : Z; fifo_metadata : option WasmStat;
  fifo_open_waiters : gmap Z (FifoOpenWaiter D) }.
Arguments mkFifo {D}. Arguments is_fifo {D}. Arguments fifo_read_only_count {D}.
Arguments fifo_writer_ever_opened {D}. Arguments fifo_read_hangup {D}. Arguments fifo_names {D}.
Arguments fifo_path_refs {D}. Arguments fifo_metadata {D}. Arguments fifo_open_waiters {D}.

Record Stream : Type := mkStream {
  stream_error_code : Z; stream_error_pending : bool; socket_read_shutdown : bool; socket_write_shutdown : bool;
  tcp_connection_id : Z; write_sealed : bool; read_error_code : Z; writes_finished : bool }.

Record PipeBuffer (F D : Type) : Type := mkPipe {
  capacity : nat; reserved : bool; pipe_idx : Z;
  ring : Ring F; ends : Ends; fifo : Fifo D; stream : Stream }.
Arguments mkPipe {F D}. Arguments capacity {F D}. Arguments reserved {F D}. Arguments pipe_idx {F D}.
Arguments ring {F D}. Arguments ends {F D}. Arguments fifo {F D}. Arguments stream {F D}.

Inductive event (F : Type) : Type :=
  | Wake (idx : Z) (w : wake)
  | Notify (idx : Z) (w : wake) (mask : Z)
  | DropFds (f : list F)
  | Sigpipe.
Arguments Wake {F}. Arguments Notify {F}. Arguments DropFds {F}. Arguments Sigpipe {F}.

Record Pipe (F D : Type) : Type := mkCtx { pipe : PipeBuffer F D; log : list (event F) }.
Arguments mkCtx {F D}. Arguments pipe {F D}. Arguments log {F D}.

Section Methods.
Context {F D : Type}.
Implicit Types (p : Pipe F D) (b : PipeBuffer F D) (r : Ring F).

(** ** Fields of the current buffer *)

Definition set_ring b r : PipeBuffer F D := mkPipe (capacity b) (reserved b) (pipe_idx b) r (ends b) (fifo b) (stream b).
Definition set_ends b e : PipeBuffer F D := mkPipe (capacity b) (reserved b) (pipe_idx b) (ring b) e (fifo b) (stream b).
Definition set_fifo b f : PipeBuffer F D := mkPipe (capacity b) (reserved b) (pipe_idx b) (ring b) (ends b) f (stream b).
Definition set_stream b s : PipeBuffer F D := mkPipe (capacity b) (reserved b) (pipe_idx b) (ring b) (ends b) (fifo b) s.
Definition on_pipe (g : PipeBuffer F D -> PipeBuffer F D) p : Pipe F D := mkCtx (g (pipe p)) (log p).
Definition put_ring r p : Pipe F D := on_pipe (fun b => set_ring b r) p.
Definition put_ends e p : Pipe F D := on_pipe (fun b => set_ends b e) p.
Definition on_fifo (g : Fifo D -> Fifo D) p : Pipe F D := on_pipe (fun b => set_fifo b (g (fifo b))) p.
Definition put_stream s p : Pipe F D := on_pipe (fun b => set_stream b s) p.

Definition emit (e : event F) p : Pipe F D := mkCtx (pipe p) (log p ++ [e]).
Definition push_wake (w : wake) p : Pipe F D := emit (Wake (pipe_idx (pipe p)) w) p.
Definition notify (w : wake) (mask : Z) p : Pipe F D := emit (Notify (pipe_idx (pipe p)) w mask) p.

Definition dropped r : list F := concat (map fds (values (ancillary_fds r))).

(** [ancillary_fds.clear()]: the descriptors of every batch are dropped. *)
Definition clear_ancillary p : Pipe F D :=
  let r := ring (pipe p) in
  emit (DropFds (dropped r))
    (put_ring (mkRing (buf r) (head r) (tail r) (len r) (stream_position r) (clear (ancillary_fds r))) p).

(** [head = 0; tail = 0; len = 0]. *)
Definition reset_ring r : Ring F := mkRing (buf r) 0 0 0 (stream_position r) (ancillary_fds r).

(** ** Socket halves and stream state *)

Definition shutdown_read p : Pipe F D :=
  let s := stream (pipe p) in
  if socket_read_shutdown s then p
  else
    let p := put_stream (mkStream (stream_error_code s) (stream_error_pending s) true (socket_write_shutdown s)
                           (tcp_connection_id s) (write_sealed s) (read_error_code s) (writes_finished s)) p in
    let p := clear_ancillary (put_ring (reset_ring (ring (pipe p))) p) in
    push_wake Writable (push_wake Readable (notify Writable 24 (notify Readable 8257 p))).

Definition shutdown_write p : Pipe F D :=
  let s := stream (pipe p) in
  if socket_write_shutdown s then p
  else
    push_wake Readable (notify Readable 8273
      (put_stream (mkStream (stream_error_code s) (stream_error_pending s) (socket_read_shutdown s) true
                     (tcp_connection_id s) (write_sealed s) (read_error_code s) (writes_finished s)) p)).

Definition seal_writes p : Pipe F D :=
  let s := stream (pipe p) in
  push_wake Writable (notify Writable 24
    (put_stream (mkStream (stream_error_code s) (stream_error_pending s) (socket_read_shutdown s)
       (socket_write_shutdown s) (tcp_connection_id s) true (read_error_code s) (writes_finished s)) p)).

Definition fail_reads_after_buffered (error : Errno) p : Pipe F D :=
  let s := stream (pipe p) in
  let code := if read_error_code s =? 0 then errno_code error else read_error_code s in
  push_wake Readable (notify Readable 24
    (put_stream (mkStream (stream_error_code s) (stream_error_pending s) (socket_read_shutdown s)
       (socket_write_shutdown s) (tcp_connection_id s) (write_sealed s) code (writes_finished s)) p)).

Definition finish_writes p : Pipe F D :=
  let s := stream (pipe p) in
  push_wake Readable (notify Readable 24
    (put_stream (mkStream (stream_error_code s) (stream_error_pending s) (socket_read_shutdown s)
       (socket_write_shutdown s) (tcp_connection_id s) (write_sealed s) (read_error_code s) true) p)).

Definition read_error b : option Errno := errno_from_u32 (read_error_code (stream b)).
Definition stream_error b : option Errno := errno_from_u32 (stream_error_code (stream b)).

Definition reset_stream (error : Errno) p : Pipe F D :=
  let s := stream (pipe p) in
  if negb (stream_error_code s =? 0) then p
  else
    let p := notify Writable 24 (notify Readable 24 p) in
    let p := put_stream (mkStream (errno_code error) true (socket_read_shutdown s) (socket_write_shutdown s)
                           (tcp_connection_id s) (write_sealed s) (read_error_code s) (writes_finished s)) p in
    let p := clear_ancillary (put_ring (reset_ring (ring (pipe p))) p) in
    push_wake Writable (push_wake Readable p).

Definition take_stream_error p : Pipe F D * Z :=
  let s := stream (pipe p) in
  (put_stream (mkStream (stream_error_code s) false (socket_read_shutdown s) (socket_write_shutdown s)
     (tcp_connection_id s) (write_sealed s) (read_error_code s) (writes_finished s)) p,
   if stream_error_pending s then stream_error_code s else 0).

(** ** Creation and memory *)

Definition empty (cap : nat) : PipeBuffer F D :=
  mkPipe cap false 0 (mkRing [] 0 0 0 0 IoBuffer.new) (mkEnds 1 1 0 0 false)
    (mkFifo false 0 false false 0 0 None ∅) (mkStream 0 false false false 0 false 0 false).

Definition new_fifo (cap : nat) (metadata : WasmStat) : PipeBuffer F D :=
  mkPipe cap false 0 (mkRing [] 0 0 0 0 IoBuffer.new) (mkEnds 0 0 0 0 false)
    (mkFifo true 0 false false 1 0 (Some metadata) ∅) (mkStream 0 false false false 0 false 0 false).

(** [granted] is the outcome of the budget and of the allocator. *)
Definition prepare_buffer (granted : bool) b : PipeBuffer F D * result unit :=
  match checked_mul usize_max (Z.of_nat (capacity b)) 2 with
  | None => (b, Err ENOMEM)
  | Some _ =>
      if granted then
        let r := ring b in
        (mkPipe (capacity b) true (pipe_idx b)
           (mkRing (replicate (capacity b) 0) (head r) (tail r) (len r) (stream_position r) (ancillary_fds r))
           (ends b) (fifo b) (stream b), Ok tt)
      else (b, Err ENOMEM)
  end.

Definition try_new (granted : bool) (cap : nat) : result (PipeBuffer F D) :=
  match prepare_buffer granted (empty cap) with (b, Ok _) => Ok b | (_, Err e) => Err e end.

Definition prepare_fifo_io (granted : bool) b : PipeBuffer F D * result unit :=
  if negb (is_fifo (fifo b)) || reserved b then (b, Ok tt) else prepare_buffer granted b.

Definition release_fifo_buffer_if_idle b : PipeBuffer F D :=
  if is_fifo (fifo b) && (read_count (ends b) =? 0) && (write_count (ends b) =? 0)
  then let r := ring b in
       mkPipe (capacity b) false (pipe_idx b)
         (mkRing [] (head r) (tail r) (len r) (stream_position r) (ancillary_fds r)) (ends b) (fifo b) (stream b)
  else b.

(** ** Names and metadata of a FIFO *)

Definition with_links (g : Z -> Z) (st : WasmStat) : WasmStat :=
  mkStat (st_dev st) (st_ino st) (st_mode st) (g (st_nlink st)) (st_uid st) (st_gid st) (st_size st)
    (st_atime_sec st) (st_atime_nsec st) (st_mtime_sec st) (st_mtime_nsec st) (st_ctime_sec st) (st_ctime_nsec st)
    (st_pad st) (st_rdev st).
Definition with_ctime (sec nsec : Z) (st : WasmStat) : WasmStat :=
  mkStat (st_dev st) (st_ino st) (st_mode st) (st_nlink st) (st_uid st) (st_gid st) (st_size st)
    (st_atime_sec st) (st_atime_nsec st) (st_mtime_sec st) (st_mtime_nsec st) sec nsec (st_pad st) (st_rdev st).

Definition set_names (f : Fifo D) (names refs : Z) (st : option WasmStat) : Fifo D :=
  mkFifo (is_fifo f) (fifo_read_only_count f) (fifo_writer_ever_opened f) (fifo_read_hangup f) names refs st
    (fifo_open_waiters f).

Definition succ_u32 (n : Z) : Z := saturating_add u32_max n 1.
Definition pred_u32 (n : Z) : Z := saturating_sub n 1.

Definition add_fifo_name : Pipe F D -> Pipe F D := on_fifo (fun f =>
  set_names f (succ_u32 (fifo_names f)) (fifo_path_refs f) (with_links succ_u32 <$> fifo_metadata f)).
Definition remove_fifo_name : Pipe F D -> Pipe F D := on_fifo (fun f =>
  set_names f (pred_u32 (fifo_names f)) (fifo_path_refs f) (with_links pred_u32 <$> fifo_metadata f)).
Definition remove_fifo_name_at (sec nsec : Z) p : Pipe F D :=
  on_fifo (fun f => set_names f (fifo_names f) (fifo_path_refs f) (with_ctime sec nsec <$> fifo_metadata f))
    (remove_fifo_name p).
Definition update_fifo_metadata (st : WasmStat) : Pipe F D -> Pipe F D := on_fifo (fun f =>
  set_names f (fifo_names f) (fifo_path_refs f) (Some st)).
Definition add_fifo_path_ref : Pipe F D -> Pipe F D := on_fifo (fun f =>
  set_names f (fifo_names f) (succ_u32 (fifo_path_refs f)) (fifo_metadata f)).
Definition close_fifo_path_ref : Pipe F D -> Pipe F D := on_fifo (fun f =>
  set_names f (fifo_names f) (pred_u32 (fifo_path_refs f)) (fifo_metadata f)).

(** ** Ends *)

Definition has_ready_fifo_reader_waiter b : bool :=
  existsb (fun kw => bool_decide (side (snd kw) = Reader) && ready (snd kw)) (map_to_list (fifo_open_waiters (fifo b))).

(** The fields of the read-only cohort. *)
Definition set_cohort (f : Fifo D) (count : Z) (ever hangup : bool) : Fifo D :=
  mkFifo (is_fifo f) count ever hangup (fifo_names f) (fifo_path_refs f) (fifo_metadata f) (fifo_open_waiters f).

(** [read_count += 1], [write_count += 1]. *)
Definition add_reader : op (Pipe F D) unit := fun p =>
  let e := ends (pipe p) in
  match checked_add u32_max (read_count e) 1 with
  | None => None
  | Some n => Some (push_wake Writable (put_ends (mkEnds n (write_count e) (in_flight_read_count e)
                      (in_flight_write_count e) false) p), Ok tt)
  end.
Definition add_writer : op (Pipe F D) unit := fun p =>
  let e := ends (pipe p) in
  match checked_add u32_max (write_count e) 1 with
  | None => None
  | Some n => Some (push_wake Readable (put_ends (mkEnds (read_count e) n (in_flight_read_count e)
                      (in_flight_write_count e) (orphaned_read e)) p), Ok tt)
  end.

(** What closing the last read end does to the stream. *)
Definition forget_stream p : Pipe F D :=
  let p := clear_ancillary (put_ring (reset_ring (ring (pipe p))) p) in
  let r := ring (pipe p) in
  if bool_decide (values (ancillary_fds r) = [])
  then put_ring (mkRing (buf r) (head r) (tail r) (len r) 0 (ancillary_fds r)) p else p.

Definition close_read_end p : Pipe F D :=
  let p := if read_count (ends (pipe p)) =? 1 then notify Writable 24 p else p in
  let e := ends (pipe p) in
  let n := pred_u32 (read_count e) in
  let p := put_ends (mkEnds n (write_count e) (in_flight_read_count e) (in_flight_write_count e)
                       (if n =? 0 then false else orphaned_read e)) p in
  let p := if n =? 0 then forget_stream p else p in
  push_wake Writable (on_pipe release_fifo_buffer_if_idle p).

Definition close_read_end_orderly p : Pipe F D :=
  let e := ends (pipe p) in
  let n := pred_u32 (read_count e) in
  let p := put_ends (mkEnds n (write_count e) (in_flight_read_count e) (in_flight_write_count e)
                       (if n =? 0 then 0 <? write_count e else orphaned_read e)) p in
  let p := if n =? 0 then forget_stream p else p in
  push_wake Writable (on_pipe release_fifo_buffer_if_idle p).

Definition close_write_end p : Pipe F D :=
  let p := if write_count (ends (pipe p)) =? 1 then notify Readable 24 p else p in
  let e := ends (pipe p) in
  let n := pred_u32 (write_count e) in
  let p := put_ends (mkEnds (read_count e) n (in_flight_read_count e) (in_flight_write_count e)
                       (if n =? 0 then false else orphaned_read e)) p in
  let p :=
    if n =? 0 then
      let f := fifo (pipe p) in
      if is_fifo f && fifo_writer_ever_opened f && (0 <? fifo_read_only_count f)
      then on_fifo (fun f => set_cohort f (fifo_read_only_count f) (fifo_writer_ever_opened f) true) p
      else if is_fifo f && negb (has_ready_fifo_reader_waiter (pipe p))
      then on_fifo (fun f => set_cohort f (fifo_read_only_count f) false false) p
      else p
    else p in
  push_wake Readable (on_pipe release_fifo_buffer_if_idle p).

Definition inherit_fifo_read_only : Pipe F D -> Pipe F D := on_fifo (fun f =>
  set_cohort f (succ_u32 (fifo_read_only_count f)) (fifo_writer_ever_opened f) (fifo_read_hangup f)).

(** The cohort of read-only openers is gone: forget the hangup. *)
Definition retire_cohort p : Pipe F D :=
  let f := fifo (pipe p) in
  if (fifo_read_only_count f =? 0) && negb (has_ready_fifo_reader_waiter (pipe p))
  then on_fifo (fun f => set_cohort f (fifo_read_only_count f)
         (if write_count (ends (pipe p)) =? 0 then false else fifo_writer_ever_opened f) false) p
  else p.

Definition close_fifo_read_only p : Pipe F D :=
  retire_cohort (close_read_end (on_fifo (fun f =>
    set_cohort f (pred_u32 (fifo_read_only_count f)) (fifo_writer_ever_opened f) (fifo_read_hangup f)) p)).

(** ** References of descriptors, held or in transit *)

Definition reference_kind b (flags : Z) : option InFlightPipeRefKind :=
  if has_flag flags O_PATH then if is_fifo (fifo b) then Some Path else None
  else
    let mode := Z.land flags O_ACCMODE in
    if mode =? O_RDONLY then Some (Read (is_fifo (fifo b)))
    else if mode =? O_WRONLY then Some Write
    else if mode =? O_RDWR then Some ReadWrite
    else None.

Definition add_reference (k : InFlightPipeRefKind) : op (Pipe F D) unit :=
  match k with
  | Path => op_modify add_fifo_path_ref
  | Read ro => do! _ <- add_reader; if ro then op_modify inherit_fifo_read_only else op_ret tt
  | Write => add_writer
  | ReadWrite => do! _ <- add_reader; add_writer
  end.

Definition close_reference (k : InFlightPipeRefKind) p : Pipe F D :=
  match k with
  | Path => close_fifo_path_ref p
  | Read true => close_fifo_read_only p
  | Read false => close_read_end p
  | Write => close_write_end p
  | ReadWrite => close_write_end (close_read_end p)
  end.

Definition reads (k : InFlightPipeRefKind) : bool := match k with Read _ | ReadWrite => true | _ => false end.
Definition writes (k : InFlightPipeRefKind) : bool := match k with Write | ReadWrite => true | _ => false end.

Definition retain_in_flight_reference (k : InFlightPipeRefKind) : op (Pipe F D) unit :=
  do! _ <- add_reference k;
  do! e <- op_get (fun p => ends (pipe p));
  match checked_add u32_max (in_flight_read_count e) (if reads k then 1 else 0),
        checked_add u32_max (in_flight_write_count e) (if writes k then 1 else 0) with
  | Some ir, Some iw => op_modify (put_ends (mkEnds (read_count e) (write_count e) ir iw (orphaned_read e)))
  | _, _ => op_panic
  end.

Definition adopt_in_flight_reference (k : InFlightPipeRefKind) p : Pipe F D :=
  let e := ends (pipe p) in
  put_ends (mkEnds (read_count e) (write_count e)
    (if reads k then pred_u32 (in_flight_read_count e) else in_flight_read_count e)
    (if writes k then pred_u32 (in_flight_write_count e) else in_flight_write_count e) (orphaned_read e)) p.

Definition release_in_flight_reference (k : InFlightPipeRefKind) p : Pipe F D :=
  close_reference k (adopt_in_flight_reference k p).

(** ** Opening a FIFO *)

Definition set_waiters (f : Fifo D) (ws : gmap Z (FifoOpenWaiter D)) : Fifo D :=
  mkFifo (is_fifo f) (fifo_read_only_count f) (fifo_writer_ever_opened f) (fifo_read_hangup f) (fifo_names f)
    (fifo_path_refs f) (fifo_metadata f) ws.

(** [admitted] is the outcome of the reservations. *)
Definition prepare_fifo_open b (admitted : bool) (owner : Z) (s : FifoOpenSide) (name : list Z)
    (flags fdflags fd : Z) : result (Z * FifoOpenWaiter D) :=
  if bool_decide (is_Some (fifo_open_waiters (fifo b) !! owner)) then Err EIO
  else if admitted then Ok (owner, mkWaiter s name flags fdflags fd None false)
  else Err ENOMEM.

Definition add_fifo_endpoint_ref (s : FifoOpenSide) : op (Pipe F D) unit :=
  match s with Reader => add_reader | Writer => add_writer end.

Definition publish_fifo_open_reservation (owner : Z) (w : FifoOpenWaiter D) : op (Pipe F D) unit :=
  do! taken <- op_get (fun p => bool_decide (is_Some (fifo_open_waiters (fifo (pipe p)) !! owner)));
  if taken then op_panic
  else
    do! _ <- op_modify (on_fifo (fun f => set_waiters f (<[owner := w]> (fifo_open_waiters f))));
    add_fifo_endpoint_ref (side w).

Definition set_ready (w : FifoOpenWaiter D) : FifoOpenWaiter D :=
  mkWaiter (side w) (path w) (status_flags w) (fd_flags w) (reserved_fd w) (prepared_descriptor w) true.
Definition release_side (s : FifoOpenSide) (w : FifoOpenWaiter D) : FifoOpenWaiter D :=
  if bool_decide (side w = s) then set_ready w else w.

Definition publish_fifo_open (s : FifoOpenSide) : Pipe F D -> Pipe F D := on_pipe (fun b =>
  let f := fifo b in
  match s with
  | Reader =>
      let open := 0 <? write_count (ends b) in
      let f := set_cohort f (succ_u32 (fifo_read_only_count f)) (open || fifo_writer_ever_opened f)
                 (if open then false else fifo_writer_ever_opened f || fifo_read_hangup f) in
      set_fifo b (set_waiters f (release_side Writer <$> fifo_open_waiters f))
  | Writer =>
      let f := set_cohort f (fifo_read_only_count f) true false in
      set_fifo b (set_waiters f (release_side Reader <$> fifo_open_waiters f))
  end).

Definition publish_fifo_read_write_open : Pipe F D -> Pipe F D := on_fifo (fun f =>
  let f := set_cohort f (fifo_read_only_count f) true false in
  set_waiters f (set_ready <$> fifo_open_waiters f)).

Definition release_fifo_open_waiters (s : FifoOpenSide) p : Pipe F D :=
  let ws := fifo_open_waiters (fifo (pipe p)) in
  let released := existsb (fun kw => bool_decide (side (snd kw) = s) && negb (ready (snd kw))) (map_to_list ws) in
  let p := on_fifo (fun f => set_waiters f (release_side s <$> ws)) p in
  if released then push_wake Writable p else p.

Definition has_fifo_open_waiter b (owner : Z) : bool :=
  bool_decide (is_Some (fifo_open_waiters (fifo b) !! owner)).

Definition remove_fifo_open_waiter (owner : Z) p : Pipe F D * option (FifoOpenWaiter D) :=
  (on_fifo (fun f => set_waiters f (delete owner (fifo_open_waiters f))) p, fifo_open_waiters (fifo (pipe p)) !! owner).

Definition take_ready_fifo_open (owner : Z) p : Pipe F D * option (FifoOpenWaiter D) :=
  match fifo_open_waiters (fifo (pipe p)) !! owner with
  | Some w => if ready w then remove_fifo_open_waiter owner p else (p, None)
  | None => (p, None)
  end.

Definition cancel_fifo_open (owner : Z) p : Pipe F D * option (FifoOpenWaiter D) :=
  match remove_fifo_open_waiter owner p with
  | (p', Some w) =>
      (match side w with Reader => retire_cohort (close_read_end p') | Writer => close_write_end p' end, Some w)
  | (_, None) => (p, None)
  end.

(** [(owner >> 32) as u32]: an owner combines a pid and a thread id. *)
Definition owner_pid (owner : Z) : Z := as_u32 (Z.shiftr owner 32).
(** The owners in key order, as the map iterates. *)
Definition owners b : list Z := merge_sort Z.le (map fst (map_to_list (fifo_open_waiters (fifo b)))).

Fixpoint cancel_from (fuel : nat) (pid : Z) (owner : option Z) p : Pipe F D * list (FifoOpenWaiter D) :=
  match fuel, owner with
  | S fuel', Some current =>
      let next := match List.find (fun k => current <? k) (owners (pipe p)) with
                  | Some k => if owner_pid k =? pid then Some k else None
                  | None => None
                  end in
      let '(p, w) := cancel_fifo_open current p in
      let '(p, ws) := cancel_from fuel' pid next p in
      (p, match w with Some w => w :: ws | None => ws end)
  | _, _ => (p, [])
  end.

(** Every round cancels one of the waiters there were, so their number bounds
    the rounds. *)
Definition cancel_fifo_opens_for_process (pid : Z) p : Pipe F D * list (FifoOpenWaiter D) :=
  let b := pipe p in
  cancel_from (size (fifo_open_waiters (fifo b))) pid (List.find (fun k => owner_pid k =? pid) (owners b)) p.

(** ** Reading and writing *)

(** [capacity - len]; the bytes never exceed the capacity. *)
Definition free_space b : nat := capacity b - len (ring b).

Definition get_slice (l : list Z) (at_ n : nat) : option (list Z) :=
  if bool_decide (at_ + n <= length l)%nat then Some (take n (drop at_ l)) else None.
(** [l[at..at + n].copy_from_slice(bytes)]. *)
Definition put_slice (l : list Z) (at_ : nat) (bytes : list Z) : option (list Z) :=
  if bool_decide (at_ + length bytes <= length l)%nat
  then Some (take at_ l ++ bytes ++ drop (at_ + length bytes) l) else None.

Definition the_ring : op (Pipe F D) (Ring F) := op_get (fun p => ring (pipe p)).

Definition rebase (base : Z) (a : StreamAncillary F) : option (StreamAncillary F) :=
  match checked_sub (start a) base, checked_sub (last a) base with
  | Some s, Some l => Some (mkAncillary s l (fds a))
  | _, _ => None
  end.

Definition ensure_stream_sequence_room (additional : nat) : op (Pipe F D) unit :=
  do! r <- the_ring;
  do! buffered_and_new <- op_some (checked_add usize_max (Z.of_nat (len r)) (Z.of_nat additional));
  match checked_add u64_max (stream_position r) buffered_and_new with
  | Some _ => op_ret tt
  | None =>
      do! rs <- op_some (mapM (rebase (stream_position r)) (values (ancillary_fds r)));
      op_modify (put_ring (mkRing (buf r) (head r) (tail r) (len r) 0
                   (mkIoBuffer rs (IoBuffer.capacity (ancillary_fds r)))))
  end.

Definition write_without_wakeup (data : list Z) : op (Pipe F D) nat :=
  do! b <- op_get pipe;
  if read_count (ends b) =? 0 then op_ret (if orphaned_read (ends b) then length data else 0%nat)
  else
    let cap := capacity b in
    let n := Nat.min (length data) (free_space b) in
    if (n =? 0)%nat then op_ret 0%nat
    else
      do! _ <- op_assert (fun p => (length (buf (ring (pipe p))) =? cap)%nat);
      do! _ <- ensure_stream_sequence_room n;
      do! r <- the_ring;
      do! _ <- op_assert (fun _ => (tail r <=? cap)%nat);
      let first := (cap - tail r)%nat in
      do! buf' <- op_some
        (if (n <=? first)%nat then put_slice (buf r) (tail r) (take n data)
         else match put_slice (buf r) (tail r) (take first data) with
              | Some l => put_slice l 0 (take (n - first) (drop first data))
              | None => None
              end);
      do! _ <- op_modify (put_ring (mkRing buf' (head r) ((tail r + n) mod cap) (len r + n) (stream_position r)
                            (ancillary_fds r)));
      op_ret n.

Definition write (data : list Z) : op (Pipe F D) nat :=
  do! previous_len <- op_get (fun p => len (ring (pipe p)));
  do! n <- write_without_wakeup data;
  do! r <- the_ring;
  do! _ <- (if (len r =? previous_len)%nat then op_ret tt else op_modify (push_wake Readable));
  op_ret n.

(** Run a method of the ancillary queue. *)
Definition on_ancillary {A} (m : op (IoBuffer (StreamAncillary F)) A) : op (Pipe F D) A := fun p =>
  let r := ring (pipe p) in
  match m (ancillary_fds r) with
  | None => None
  | Some (q, a) => Some (put_ring (mkRing (buf r) (head r) (tail r) (len r) (stream_position r) q) p, a)
  end.

(** A batch the function owns is dropped when it returns without queueing
    it. *)
Definition dropping {A} (batch : list F) (m : op (Pipe F D) A) : op (Pipe F D) A :=
  op_match m (fun a => do! _ <- op_modify (emit (DropFds batch)); op_ret a)
             (fun e => do! _ <- op_modify (emit (DropFds batch)); op_err e).

Definition write_with_ancillary (size : Z) (mem : Memory) (data : list Z) (batch : list F) : op (Pipe F D) nat :=
  if bool_decide (batch = []) then write data
  else if bool_decide (data = []) then dropping batch (op_ret 0%nat)
  else
    op_match (on_ancillary (deque_try_reserve size mem 1))
      (fun _ =>
         do! previous_len <- op_get (fun p => len (ring (pipe p)));
         do! n <- write_without_wakeup data;
         do! r <- the_ring;
         if (n =? 0)%nat then dropping batch (op_ret 0%nat)
         else if (len r =? previous_len)%nat then dropping batch (op_ret n)
         else
           do! first <- op_some (checked_add u64_max (stream_position r) (Z.of_nat previous_len));
           do! past <- op_some (checked_add u64_max first (Z.of_nat n));
           do! _ <- on_ancillary (push (mkAncillary first past batch));
           do! _ <- op_modify (push_wake Readable);
           op_ret n)
      (fun _ => dropping batch (op_err ENOMEM)).

Definition front r : option (StreamAncillary F) := List.hd_error (values (ancillary_fds r)).

(** [front().is_some_and(|ancillary| ancillary.start < read_end)]. *)
Definition crosses r (read_end : Z) : bool := match front r with Some a => start a <? read_end | None => false end.

Definition message_read_len (requested : nat) : op (Pipe F D) nat :=
  do! r <- the_ring;
  let bytes := Nat.min requested (len r) in
  match front r with
  | None => op_ret bytes
  | Some a =>
      do! requested_end <- op_some (checked_add u64_max (stream_position r) (Z.of_nat bytes));
      if start a <? requested_end then
        do! barrier_len <- op_some (checked_sub (last a) (stream_position r));
        op_ret (Nat.min bytes (Z.to_nat (as_u32 barrier_len)))
      else op_ret bytes
  end.

Definition ancillary_barrier_within (requested : nat) : op (Pipe F D) bool :=
  do! r <- the_ring;
  do! read_end <- op_some (checked_add u64_max (stream_position r) (Z.of_nat (Nat.min requested (len r))));
  op_ret (crosses r read_end).

(** The bytes copied into the caller's buffer. *)
Definition copy_from_head (bytes : nat) : op (Pipe F D) (list Z) :=
  if (bytes =? 0)%nat then op_ret []
  else
    do! b <- op_get pipe;
    let r := ring b in
    let cap := capacity b in
    do! _ <- op_assert (fun _ => (head r <=? cap)%nat);
    let first := Nat.min (cap - head r) bytes in
    do! l1 <- op_some (get_slice (buf r) (head r) first);
    if (first <? bytes)%nat
    then do! l2 <- op_some (get_slice (buf r) 0 (bytes - first)); op_ret (l1 ++ l2)
    else op_ret l1.

(** [len -= bytes] underflows when more is consumed than buffered. *)
Definition consume_from_head (bytes : nat) : op (Pipe F D) unit :=
  if (bytes =? 0)%nat then op_ret tt
  else
    do! _ <- ensure_stream_sequence_room 0;
    do! b <- op_get pipe;
    let r := ring b in
    do! _ <- op_assert (fun _ => negb (capacity b =? 0)%nat && (bytes <=? len r)%nat);
    do! position <- op_some (checked_add u64_max (stream_position r) (Z.of_nat bytes));
    do! _ <- op_modify (put_ring (mkRing (buf r) ((head r + bytes) mod capacity b) (tail r) (len r - bytes) position
                          (ancillary_fds r)));
    op_modify (push_wake Writable).

Record PipeMessageRead : Type := mkRead {
  data_read : list Z; hit_ancillary_barrier : bool; received_fds : option (list F) }.

(** [clone] is the outcome of [try_clone_retained] on the batch peeked at. *)
Definition recv_message (clone : list F -> result (list F)) (size : nat) (peek : bool) : op (Pipe F D) PipeMessageRead :=
  do! bytes_read <- message_read_len size;
  do! r <- the_ring;
  do! read_end <- op_some (checked_add u64_max (stream_position r) (Z.of_nat bytes_read));
  do! received <-
    (match front r with
     | Some a =>
         if start a <? read_end then
           if peek then do! c <- op_lift (clone (fds a)); op_ret (Some c)
           else
             do! _ <- op_modify (put_ring (mkRing (buf r) (head r) (tail r) (len r) (stream_position r)
                                   (fst (pop_front (ancillary_fds r)))));
             op_ret (Some (fds a))
         else op_ret None
     | None => op_ret None
     end);
  do! out <- copy_from_head bytes_read;
  do! _ <- (if peek then op_ret tt else consume_from_head bytes_read);
  op_ret (mkRead out (crosses r read_end) received).

Definition recv_plain (size : nat) (peek : bool) : op (Pipe F D) (list Z * bool) :=
  do! bytes_read <- message_read_len size;
  do! r <- the_ring;
  do! read_end <- op_some (checked_add u64_max (stream_position r) (Z.of_nat bytes_read));
  do! out <- copy_from_head bytes_read;
  do! _ <-
    (if peek then op_ret tt
     else
       do! _ <- (match front r with
                 | Some a =>
                     if start a <? read_end
                     then op_modify (fun p => emit (DropFds (fds a)) (put_ring (mkRing (buf r) (head r) (tail r) (len r)
                                                (stream_position r) (fst (pop_front (ancillary_fds r)))) p))
                     else op_ret tt
                 | None => op_ret tt
                 end);
       consume_from_head bytes_read);
  op_ret (out, crosses r read_end).

Definition peek (size : nat) : op (Pipe F D) (list Z) :=
  do! bytes_read <- message_read_len size; copy_from_head bytes_read.
Definition read (size : nat) : op (Pipe F D) (list Z) :=
  do! out <- recv_plain size false; op_ret (fst out).

(** ** Queries *)

Definition has_external_reader b : bool := in_flight_read_count (ends b) <? read_count (ends b).
Definition is_read_end_open b : bool :=
  negb (socket_read_shutdown (stream b)) && ((0 <? read_count (ends b)) || orphaned_read (ends b)).
Definition has_readers b : bool := 0 <? read_count (ends b).
Definition is_write_end_open b : bool := negb (socket_write_shutdown (stream b)) && (0 <? write_count (ends b)).
Definition read_end_has_eof b : bool := negb (is_write_end_open b) || writes_finished (stream b).
Definition read_end_has_hangup b : bool :=
  if writes_finished (stream b) then true
  else if is_fifo (fifo b) then fifo_read_hangup (fifo b) else negb (is_write_end_open b).
Definition is_fully_closed b : bool :=
  (read_count (ends b) =? 0) && (write_count (ends b) =? 0) && negb (orphaned_read (ends b))
  && (negb (is_fifo (fifo b)) || (fifo_names (fifo b) =? 0) && (fifo_path_refs (fifo b) =? 0)).
Definition has_ancillary b : bool := negb (bool_decide (values (ancillary_fds (ring b)) = [])).

(** ** The kernel pipe arms of [sys_read] and [sys_write] (syscalls.rs) *)

Definition sys_read_pipe (size : nat) : op (Pipe F D) (list Z) :=
  do! out <- read size;
  if (0 <? length out)%nat then op_ret out
  else
    do! b <- op_get pipe;
    match read_error b with
    | Some error => op_err error
    | None => if read_end_has_eof b then op_ret [] else op_err EAGAIN
    end.

Definition sys_write_pipe (data : list Z) : op (Pipe F D) nat :=
  do! b <- op_get pipe;
  if write_sealed (stream b) then op_err EPERM
  else if negb (is_read_end_open b) then do! _ <- op_modify (emit Sigpipe); op_err EPIPE
  else if (lenZ data <=? PIPE_BUF) && (free_space b <? length data)%nat then op_err EAGAIN
  else
    do! n <- write data;
    if (0 <? n)%nat then op_ret n else op_err EAGAIN.
End Methods.

(** ** The abstract stream

    The bytes in order, and for each queued batch the range of offsets into
    them that it is attached to. *)

Section Specs.
Context {F D : Type}.
Implicit Types (p : Pipe F D) (b : PipeBuffer F D) (r : Ring F).

Definition rotate_buf r : list Z := drop (head r) (buf r) ++ take (head r) (buf r).
Definition contents b : list Z := take (len (ring b)) (rotate_buf (ring b)).

Definition mark (base : Z) (a : StreamAncillary F) : Z * Z * list F := (start a - base, last a - base, fds a).
Definition marks b : list (Z * Z * list F) :=
  map (mark (stream_position (ring b))) (values (ancillary_fds (ring b))).

(** Batches in order, not empty, disjoint and within the bytes. *)
Fixpoint ranges_ok (lo hi : Z) (l : list (Z * Z * list F)) : Prop :=
  match l with
  | [] => lo <= hi
  | (s, e, f) :: l' => lo <= s /\ s < e /\ f <> [] /\ ranges_ok e hi l'
  end.

Definition modulus b : nat := Nat.max 1 (capacity b).

Record ring_ok b : Prop := {
  rk_len : (len (ring b) <= capacity b)%nat;
  rk_cap : Z.of_nat (capacity b) <= usize_max;
  rk_head : (head (ring b) < modulus b)%nat;
  rk_tail : tail (ring b) = ((head (ring b) + len (ring b)) mod modulus b)%nat;
  rk_pos : 0 <= stream_position (ring b);
  rk_end : stream_position (ring b) + Z.of_nat (len (ring b)) <= u64_max;
  rk_marks : ranges_ok 0 (Z.of_nat (len (ring b))) (marks b);
  rk_queue : buf_ok (ancillary_fds (ring b)) }.

Definition prepared b : Prop := length (buf (ring b)) = capacity b.

Record pipe_ok b : Prop := {
  pk_ring : ring_ok b;
  pk_reads : 0 <= read_count (ends b) <= u32_max;
  pk_writes : 0 <= write_count (ends b) <= u32_max;
  pk_closed : read_count (ends b) = 0 -> len (ring b) = 0%nat /\ values (ancillary_fds (ring b)) = [];
  pk_buffer : prepared b \/ len (ring b) = 0%nat /\ is_fifo (fifo b) = true
                /\ read_count (ends b) = 0 /\ write_count (ends b) = 0;
  pk_charged : reserved b = true \/ buf (ring b) = [] }.

(** *** The ring *)

Lemma mod_wrap a n : (0 < n)%nat -> (a < 2 * n)%nat -> (a mod n = if (a <? n) then a else a - n)%nat.
Proof.
  intros Hn Ha. destruct (Nat.ltb_spec a n) as [H|H]; [by apply Nat.mod_small|].
  replace a with ((a - n) + 1 * n)%nat at 1 by lia. rewrite Nat.Div0.mod_add. apply Nat.mod_small. lia.
Qed.

Lemma put_slice_spec l i bs : (i + length bs <= length l)%nat ->
  exists l', put_slice l i bs = Some l' /\ length l' = length l
    /\ forall j, l' !! j = if decide (i <= j < i + length bs)%nat then bs !! (j - i)%nat else l !! j.
Proof.
  intros H. unfold put_slice. rewrite bool_decide_eq_true_2 by done. eexists. split; [done|]. split.
  { rewrite !length_app, length_take, length_drop. lia. }
  intros j. case_decide as Hj.
  - rewrite lookup_app_r by (rewrite length_take; lia). rewrite length_take, Nat.min_l by lia.
    by rewrite lookup_app_l by lia.
  - destruct (decide (j < i)%nat).
    + rewrite lookup_app_l by (rewrite length_take; lia). by rewrite lookup_take_lt.
    + rewrite lookup_app_r by (rewrite length_take; lia). rewrite length_take, Nat.min_l by lia.
      rewrite lookup_app_r by lia. rewrite lookup_drop. f_equal. lia.
Qed.

(** Where the [i]-th byte from an index lies. *)
Definition slot (cap h i : nat) : nat := if (h + i <? cap)%nat then (h + i)%nat else (h + i - cap)%nat.

Lemma lookup_rotate (l : list Z) h i : (h <= length l)%nat -> (i < length l)%nat ->
  (drop h l ++ take h l) !! i = l !! slot (length l) h i.
Proof.
  intros Hh Hi. unfold slot. destruct (Nat.ltb_spec (h + i) (length l)).
  - rewrite lookup_app_l by (rewrite length_drop; lia). by rewrite lookup_drop.
  - rewrite lookup_app_r by (rewrite length_drop; lia). rewrite length_drop, lookup_take_lt by lia. f_equal. lia.
Qed.

Lemma length_rotate r : length (rotate_buf r) = length (buf r).
Proof. unfold rotate_buf. rewrite length_app, length_drop, length_take. lia. Qed.

Lemma length_contents b : ring_ok b -> prepared b \/ len (ring b) = 0%nat -> length (contents b) = len (ring b).
Proof.
  intros [] Hp. unfold contents. rewrite length_take, length_rotate. unfold prepared in Hp.
  destruct Hp as [->| ->]; lia.
Qed.

Lemma contents_lookup b i : ring_ok b -> prepared b -> (i < len (ring b))%nat ->
  contents b !! i = buf (ring b) !! slot (capacity b) (head (ring b)) i.
Proof.
  intros [] Hp Hi. unfold contents, prepared, modulus in *. rewrite lookup_take_lt by done. unfold rotate_buf.
  rewrite lookup_rotate by lia. by rewrite Hp.
Qed.

(** Two writers of the same slots: what [write_without_wakeup] stores. *)
Lemma store_spec l tl n data : (tl < length l)%nat -> (n <= length l)%nat -> (n <= length data)%nat ->
  let first := (length l - tl)%nat in
  exists l', (if (n <=? first)%nat then put_slice l tl (take n data)
              else match put_slice l tl (take first data) with
                   | Some m => put_slice m 0 (take (n - first) (drop first data))
                   | None => None
                   end) = Some l'
    /\ length l' = length l
    /\ (forall j, (j < n)%nat -> l' !! slot (length l) tl j = data !! j)
    /\ (forall i, (n <= i < length l)%nat -> l' !! slot (length l) tl i = l !! slot (length l) tl i).
Proof.
  intros Ht Hn Hd first. unfold slot. destruct (Nat.leb_spec n first) as [Hf|Hf].
  - destruct (put_slice_spec l tl (take n data)) as (l' & -> & Hl & Hj); [rewrite length_take; lia|].
    rewrite length_take, Nat.min_l in Hj by lia. exists l'. split_and!; [done|done|intros j ?..]; rewrite Hj;
      destruct (Nat.ltb_spec (tl + j) (length l)); case_decide; try lia; try done.
    rewrite lookup_take_lt by lia. f_equal. lia.
  - destruct (put_slice_spec l tl (take first data)) as (m & -> & Hl & Hj); [rewrite length_take; lia|].
    destruct (put_slice_spec m 0 (take (n - first) (drop first data))) as (l' & -> & Hl' & Hj');
      [rewrite length_take, length_drop; lia|].
    rewrite length_take, Nat.min_l in Hj by lia. rewrite length_take, length_drop, Nat.min_l in Hj' by lia.
    exists l'. split_and!; [done|lia|intros j ?..]; rewrite Hj'; destruct (Nat.ltb_spec (tl + j) (length l));
      case_decide; try lia.
    + rewrite Hj. case_decide; [|lia]. rewrite lookup_take_lt by lia. f_equal. lia.
    + rewrite lookup_take_lt, lookup_drop by lia. f_equal. lia.
    + rewrite Hj. case_decide; [lia|]. done.
Qed.

Lemma put_ring_id p : put_ring (ring (pipe p)) p = p.
Proof. by destruct p as [[] ?]. Qed.

Lemma put_ring_ok p r : pipe_ok (pipe p) -> ring_ok (set_ring (pipe p) r) -> length (buf r) = length (buf (ring (pipe p))) ->
  (read_count (ends (pipe p)) = 0 -> len r = 0%nat /\ values (ancillary_fds r) = []) -> pipe_ok (pipe (put_ring r p)).
Proof.
  intros [] Hr Hb Hc. split; simpl; try done.
  - unfold prepared in *. simpl. rewrite Hb. naive_solver.
  - destruct pk_charged0 as [|E]; [by left|right]. rewrite E in Hb. by destruct (buf r).
Qed.

(** *** Sequence numbers *)

Lemma ranges_nonneg l lo hi : 0 <= lo -> ranges_ok lo hi l -> Forall (fun m : Z * Z * list F => 0 <= fst (fst m) /\ 0 <= snd (fst m)) l.
Proof.
  revert lo. induction l as [|[[s e] f] l IH]; intros lo Hlo; simpl; [constructor|].
  intros (? & ? & ? & ?). constructor; [simpl; lia|]. apply (IH e); [lia|done].
Qed.

Lemma ranges_bound l lo hi : ranges_ok lo hi l -> lo <= hi.
Proof. revert lo. induction l as [|[[s e] f] l IH]; simpl; [done|]. intros lo (? & ? & ? & H%IH). lia. Qed.

Lemma rebase_all base (l : list (StreamAncillary F)) :
  Forall (fun m : Z * Z * list F => 0 <= fst (fst m) /\ 0 <= snd (fst m)) (map (mark base) l) ->
  exists l', mapM (rebase base) l = Some l' /\ map (mark 0) l' = map (mark base) l.
Proof.
  induction l as [|a l IH]; intros H; [by exists []|]. apply Forall_cons in H as [[H1 H2] H%IH].
  destruct H as (l' & E & Hm). simpl in H1, H2.
  assert (rebase base a = Some (mkAncillary (start a - base) (last a - base) (fds a))) as Ea.
  { unfold rebase, checked_sub. by rewrite (proj2 (Z.leb_le base (start a))), (proj2 (Z.leb_le base (last a))) by lia. }
  simpl. rewrite Ea. simpl. rewrite E. simpl. eexists. split; [done|]. simpl. rewrite Hm. f_equal.
  unfold mark. simpl. by rewrite !Z.sub_0_r.
Qed.

Lemma ensure_room_spec p n : ring_ok (pipe p) -> (len (ring (pipe p)) + n <= capacity (pipe p))%nat ->
  let r := ring (pipe p) in
  exists q pos, let r' := mkRing (buf r) (head r) (tail r) (len r) pos q in
    ensure_stream_sequence_room n p = Some (put_ring r' p, Ok tt)
    /\ 0 <= pos /\ pos + Z.of_nat (len r + n) <= u64_max
    /\ marks (set_ring (pipe p) r') = marks (pipe p)
    /\ IoBuffer.capacity q = IoBuffer.capacity (ancillary_fds r) /\ buf_ok q.
Proof.
  intros Hr Hn r. pose proof Hr as []. unfold ensure_stream_sequence_room, the_ring, op_bind, op_get, op_some, op_ret.
  fold r. unfold checked_add. rewrite (proj2 (Z.leb_le (Z.of_nat (len r) + Z.of_nat n) usize_max)) by (subst r; lia).
  destruct (Z.leb_spec (stream_position r + (Z.of_nat (len r) + Z.of_nat n)) u64_max) as [H|H].
  - exists (ancillary_fds r), (stream_position r). split; [|split_and!; try done; subst r; lia].
    f_equal. f_equal. subst r. by destruct p as [[? ? ? [] ? ? ?] ?].
  - destruct (rebase_all (stream_position r) (values (ancillary_fds r))) as (l' & -> & Hm).
    { eapply (ranges_nonneg _ 0); [lia|done]. }
    exists (mkIoBuffer l' (IoBuffer.capacity (ancillary_fds r))), 0. split; [done|]. split_and!; try done; try lia.
    { subst r. unfold usize_max, u32_max, u64_max in *. lia. }
    { unfold buf_ok, IoBuffer.len in *. simpl. subst r.
      assert (length l' = length (values (ancillary_fds (ring (pipe p))))) as ->; [|done].
      by rewrite <- (length_map (mark 0)), Hm, length_map. }
Qed.

(** *** Writing *)

Ltac split_slots :=
  repeat match goal with |- context [(?a <? ?b)%nat] => destruct (Nat.ltb_spec a b) end.

Lemma slot_before cap h n i : (h < cap)%nat -> (n <= cap)%nat -> (i < n)%nat ->
  slot cap h i = slot cap (slot cap h n) (i + cap - n).
Proof. unfold slot. intros. split_slots; lia. Qed.

Lemma slot_after cap h n i : (h < cap)%nat -> (n <= i <= cap)%nat ->
  slot cap h i = slot cap (slot cap h n) (i - n).
Proof. unfold slot. intros. split_slots; lia. Qed.

Lemma slot_lt cap h n : (h < cap)%nat -> (n <= cap)%nat -> (slot cap h n < cap)%nat.
Proof. unfold slot. intros. split_slots; lia. Qed.

Lemma slot_mod cap h n : (h < cap)%nat -> (n <= cap)%nat -> ((h + n) mod cap)%nat = slot cap h n.
Proof. intros. unfold slot. by rewrite mod_wrap by lia. Qed.

Lemma prepared_open b : pipe_ok b -> 0 < read_count (ends b) -> prepared b.
Proof. intros [] H. destruct pk_buffer0 as [|(_ & _ & ? & _)]; [done|lia]. Qed.

(** What a write of [n] bytes does to the ring. *)
Definition wrote (data : list Z) (n : nat) p r : Prop :=
  ring_ok (set_ring (pipe p) r) /\ length (buf r) = length (buf (ring (pipe p)))
  /\ len r = (len (ring (pipe p)) + n)%nat
  /\ contents (set_ring (pipe p) r) = contents (pipe p) ++ take n data
  /\ marks (set_ring (pipe p) r) = marks (pipe p)
  /\ IoBuffer.capacity (ancillary_fds r) = IoBuffer.capacity (ancillary_fds (ring (pipe p))).

Lemma ranges_extend l lo hi hi' : hi <= hi' -> ranges_ok lo hi l -> ranges_ok lo hi' l.
Proof. intros H. revert lo. induction l as [|[[s e] f] l IH]; intros lo; simpl; [lia|]. naive_solver. Qed.

Lemma store_ring_ok p q pos l n data : ring_ok (pipe p) -> prepared (pipe p) ->
  let b := pipe p in let r := ring b in
  let r' := mkRing l (head r) ((tail r + n) mod capacity b) (len r + n) pos q in
  (0 < n <= free_space b)%nat -> (n <= length data)%nat -> 0 <= pos -> pos + Z.of_nat (len r + n) <= u64_max ->
  marks (set_ring b r') = marks b -> IoBuffer.capacity q = IoBuffer.capacity (ancillary_fds r) -> buf_ok q ->
  length l = capacity b ->
  (forall j, (j < n)%nat -> l !! slot (capacity b) (tail r) j = data !! j) ->
  (forall i, (n <= i < capacity b)%nat -> l !! slot (capacity b) (tail r) i = buf r !! slot (capacity b) (tail r) i) ->
  wrote data n p r'.
Proof.
  intros Hr Hp b r r' Hn Hd H0 Hpos Hm Hc Hq Hl Hin Hout. pose proof Hr as [L1 L2 L3 L4 _ _ L7 _].
  fold b r in L1, L2, L3, L4, L7. unfold free_space, prepared, modulus in *. fold b r in Hp, Hn.
  rewrite Nat.max_r in L3, L4 by lia.
  assert (tail r = slot (capacity b) (head r) (len r)) as Ht by (rewrite L4; apply slot_mod; lia).
  assert (ring_ok (set_ring b r')) as Hr'.
  { split; simpl; unfold modulus; simpl; try done; try lia.
    - rewrite Nat.max_r by lia. rewrite Ht, slot_mod by (first [apply slot_lt|idtac]; lia).
      rewrite slot_mod by lia. rewrite (slot_after _ _ (len r) (len r + n)%nat) by lia.
      
      f_equal. lia.
    - rewrite Hm. eapply ranges_extend; [|done]. lia. }
  split_and!; simpl; try done; [fold b r; lia|].
  apply list_eq. intros i. destruct (decide (i < len r + n)%nat) as [Hi|Hi].
  - rewrite contents_lookup by done. simpl. fold b. destruct (decide (i < len r)%nat) as [Hi'|Hi'].
    + rewrite (slot_before _ _ (len r)), <- Ht, Hout by lia. rewrite lookup_app_l by (rewrite length_contents; auto).
      rewrite contents_lookup by done. fold r. rewrite Ht. f_equal. symmetry. apply slot_before; lia.
    + rewrite (slot_after _ _ (len r)), <- Ht, Hin by lia.
      rewrite lookup_app_r by (rewrite length_contents; auto; fold b r; lia). rewrite length_contents by auto.
      fold b r. by rewrite lookup_take_lt by lia.
  - rewrite !lookup_ge_None_2; [done|..].
    + rewrite length_app, length_take, length_contents by auto. fold b r. lia.
    + rewrite length_contents by auto. simpl. lia.
Qed.

Definition written b (data : list Z) : nat := Nat.min (length data) (free_space b).

Lemma wrote_nothing p data : ring_ok (pipe p) -> wrote data 0 p (ring (pipe p)).
Proof.
  intros H. assert (set_ring (pipe p) (ring (pipe p)) = pipe p) as E by (by destruct (pipe p)).
  unfold wrote. rewrite E. split_and!; try done; try lia. by rewrite take_0, app_nil_r.
Qed.

Lemma write_closed p data : read_count (ends (pipe p)) = 0 ->
  write_without_wakeup data p = Some (p, Ok (if orphaned_read (ends (pipe p)) then length data else 0%nat)).
Proof. intros H. unfold write_without_wakeup, op_bind, op_get. by rewrite H. Qed.

Lemma write_open p data : pipe_ok (pipe p) -> 0 < read_count (ends (pipe p)) ->
  exists r, write_without_wakeup data p = Some (put_ring r p, Ok (written (pipe p) data))
    /\ wrote data (written (pipe p) data) p r /\ (written (pipe p) data = 0%nat -> r = ring (pipe p)).
Proof.
  intros Hok Hr. pose proof (prepared_open _ Hok Hr) as Hp. pose proof (pk_ring _ Hok) as Hring.
  pose proof Hring as [L1 L2 L3 L4 _ _ _ _]. unfold write_without_wakeup, op_get. cbn [op_bind].
  rewrite (proj2 (Z.eqb_neq (read_count (ends (pipe p))) 0)) by lia. fold (written (pipe p) data).
  destruct (Nat.eqb_spec (written (pipe p) data) 0) as [E|E].
  { exists (ring (pipe p)). rewrite put_ring_id, E. split; [done|]. split; [by apply wrote_nothing|done]. }
  assert (0 < written (pipe p) data <= free_space (pipe p))%nat as Hn by (unfold written in *; lia).
  assert (written (pipe p) data <= length data)%nat as Hd by (unfold written in *; lia).
  generalize dependent (written (pipe p) data). intros n En Hn Hd. pose proof Hn as Hn'. unfold free_space in Hn'.
  unfold prepared in Hp. unfold op_bind at 1. unfold op_assert at 1. rewrite Hp, Nat.eqb_refl.
  destruct (ensure_room_spec p n Hring) as (q & pos & E1 & H0 & H1 & H2 & H3 & H4); [lia|].
  rewrite (bind_ok _ _ _ _ _ E1). unfold the_ring, op_get. cbn [op_bind].
  unfold modulus in *. rewrite Nat.max_r in L3, L4 by lia.
  assert (tail (ring (pipe p)) < capacity (pipe p))%nat as Ht by (rewrite L4; apply Nat.mod_upper_bound; lia).
  unfold op_bind at 1. unfold op_assert. simpl. rewrite (proj2 (Nat.leb_le (tail (ring (pipe p))) _)) by lia.
  destruct (store_spec (buf (ring (pipe p))) (tail (ring (pipe p))) n data) as (l & E2 & H5 & H6 & H7); [lia..|].
  rewrite Hp in E2, H5, H6, H7. unfold op_bind at 1. unfold op_some. rewrite E2. simpl.
  eexists. split; [reflexivity|]. simpl. split; [apply store_ring_ok; try done|lia].
Qed.

Lemma wrote_ok p data n r : pipe_ok (pipe p) -> 0 < read_count (ends (pipe p)) -> wrote data n p r ->
  pipe_ok (pipe (put_ring r p)).
Proof. intros Hok Hr (H1 & H2 & _). apply put_ring_ok; try done. intros. lia. Qed.

Lemma write_spec p data : pipe_ok (pipe p) ->
  read_count (ends (pipe p)) = 0
    /\ write data p = Some (p, Ok (if orphaned_read (ends (pipe p)) then length data else 0%nat))
  \/ 0 < read_count (ends (pipe p)) /\ exists r, wrote data (written (pipe p) data) p r
    /\ write data p = Some ((if (written (pipe p) data =? 0)%nat then p else push_wake Readable (put_ring r p)),
                            Ok (written (pipe p) data)).
Proof.
  intros Hok. destruct (Z.eq_dec (read_count (ends (pipe p))) 0) as [E|E].
  - left. split; [done|]. unfold write, op_get. cbn [op_bind]. rewrite (bind_ok _ _ _ _ _ (write_closed p data E)).
    unfold the_ring, op_get. cbn [op_bind]. by rewrite Nat.eqb_refl.
  - right. assert (0 < read_count (ends (pipe p))) as Hr by (destruct (pk_reads _ Hok); lia). split; [done|].
    destruct (write_open p data Hok Hr) as (r & Ew & Hw & H0). exists r. split; [done|].
    unfold write, op_get. cbn [op_bind]. rewrite (bind_ok _ _ _ _ _ Ew). unfold the_ring, op_get. cbn [op_bind].
    destruct Hw as (_ & _ & Hl & _). simpl. rewrite Hl.
    destruct (Nat.eqb_spec (written (pipe p) data) 0) as [En|En].
    + rewrite (H0 En), put_ring_id. by rewrite En, Nat.add_0_r, Nat.eqb_refl.
    + rewrite (proj2 (Nat.eqb_neq _ _)) by lia. done.
Qed.

(** *** Writing with descriptors *)

Lemma ranges_snoc l lo hi hi' s e (f : list F) : ranges_ok lo hi l -> hi <= s -> s < e -> e <= hi' -> f <> [] ->
  ranges_ok lo hi' (l ++ [(s, e, f)]).
Proof. revert lo. induction l as [|[[s' e'] f'] l IH]; intros lo; simpl; [intros; split_and!; auto; lia|]. naive_solver. Qed.

(** [q] holds the same batches as the queue of [p]. *)
Definition requeue p (q : IoBuffer (StreamAncillary F)) : Pipe F D :=
  let r := ring (pipe p) in put_ring (mkRing (buf r) (head r) (tail r) (len r) (stream_position r) q) p.

Lemma requeue_ok p q : pipe_ok (pipe p) -> values q = values (ancillary_fds (ring (pipe p))) -> buf_ok q ->
  pipe_ok (pipe (requeue p q)) /\ contents (pipe (requeue p q)) = contents (pipe p)
  /\ marks (pipe (requeue p q)) = marks (pipe p).
Proof.
  intros Hok Hv Hq. assert (marks (pipe (requeue p q)) = marks (pipe p)) as Hm by (unfold marks; simpl; by rewrite Hv).
  split_and!; [|done|done]. apply put_ring_ok; simpl; try done.
  - destruct (pk_ring _ Hok). split; simpl; try done. unfold requeue in Hm. simpl in Hm. by rewrite Hm.
  - rewrite Hv. apply (pk_closed _ Hok).
Qed.

Lemma reserve_queue p size mem : pipe_ok (pipe p) -> allocator_ok mem ->
  exists q res, on_ancillary (deque_try_reserve size mem 1) p = Some (requeue p q, res)
    /\ values q = values (ancillary_fds (ring (pipe p))) /\ buf_ok q
    /\ (res = Ok tt -> IoBuffer.len q < IoBuffer.capacity q).
Proof.
  intros Hok Hm. unfold on_ancillary.
  destruct (deque_try_reserve_spec size mem 1 (ancillary_fds (ring (pipe p))) Hm) as (q & res & -> & Hv & Hc & Hw & He).
  pose proof (rk_queue _ (pk_ring _ Hok)) as Hq. exists q, res. split; [done|]. split; [done|].
  unfold buf_ok, IoBuffer.len in *. rewrite Hv. split; [lia|]. intros E%Hw. lia.
Qed.

Lemma push_batch p first past batch : pipe_ok (pipe p) -> let r := ring (pipe p) in
  IoBuffer.len (ancillary_fds r) < IoBuffer.capacity (ancillary_fds r) ->
  first < past -> batch <> [] -> past - stream_position r = Z.of_nat (len r) ->
  ranges_ok 0 (first - stream_position r) (marks (pipe p)) -> 0 < read_count (ends (pipe p)) ->
  exists p', on_ancillary (push (mkAncillary first past batch)) p = Some (p', Ok tt) /\ log p' = log p
    /\ ends (pipe p') = ends (pipe p) /\ pipe_idx (pipe p') = pipe_idx (pipe p) /\ capacity (pipe p') = capacity (pipe p)
    /\ pipe_ok (pipe p') /\ contents (pipe p') = contents (pipe p)
    /\ marks (pipe p') = marks (pipe p) ++ [(first - stream_position r, past - stream_position r, batch)].
Proof.
  intros Hok r Hlt Hfp Hb Hpast Hm Hr. unfold on_ancillary. fold r.
  destruct (push_spec (mkAncillary first past batch) (ancillary_fds r) Hlt) as [-> Hq]. eexists. split; [done|].
  simpl. assert (forall q, values q = values (ancillary_fds r) ++ [mkAncillary first past batch] ->
    marks (pipe (requeue p q)) = marks (pipe p) ++ [(first - stream_position r, past - stream_position r, batch)]) as Hm'.
  { intros q Hq'. unfold marks. simpl. rewrite Hq', map_app. done. }
  split_and!; try done; [|by apply Hm'].
  apply put_ring_ok; [done| |done|lia]. destruct Hok as [[] ? ? ? ? ?]. split; try done. simpl.
  unfold requeue in Hm'. simpl in Hm'. fold r in Hm'. rewrite Hm' by done.
  eapply ranges_snoc; try done; lia.
Qed.

(** Only the ring and the log may differ. *)
Definition ring_only p p' : Prop := pipe p' = set_ring (pipe p) (ring (pipe p')).

Lemma ring_only_trans p1 p2 p3 : ring_only p1 p2 -> ring_only p2 p3 -> ring_only p1 p3.
Proof. unfold ring_only. intros H1 H2. rewrite H2, H1. done. Qed.

Lemma write_with_ancillary_spec p size mem data batch : pipe_ok (pipe p) -> allocator_ok mem -> batch <> [] ->
  exists p' res, write_with_ancillary size mem data batch p = Some (p', res) /\ pipe_ok (pipe p') /\ ring_only p p'
    /\ let b := pipe p in let n := written b data in
       (res = Ok n /\ (0 < n)%nat /\ 0 < read_count (ends b) /\ log p' = log p ++ [Wake (pipe_idx b) Readable]
        /\ contents (pipe p') = contents b ++ take n data
        /\ marks (pipe p') = marks b ++ [(Z.of_nat (len (ring b)), Z.of_nat (len (ring b) + n), batch)]
        \/ (res = Err ENOMEM \/ res = Ok 0%nat \/ read_count (ends b) = 0 /\ res = Ok (length data))
           /\ log p' = log p ++ [DropFds batch] /\ contents (pipe p') = contents b /\ marks (pipe p') = marks b).
Proof.
  intros Hok Hmem Hb. unfold write_with_ancillary. rewrite bool_decide_eq_false_2 by done.
  case_bool_decide as Hd.
  { eexists (emit (DropFds batch) p), _. split; [done|]. split; [done|]. split; [by destruct p as [[] ?]|]. right. auto. }
  destruct (reserve_queue p size mem Hok Hmem) as (q & res & Eq & Hv & Hq & Hlt).
  destruct (requeue_ok p q Hok Hv Hq) as (Hok1 & Hc1 & Hm1). unfold op_match. rewrite Eq.
  destruct res as [[]|e]; [specialize (Hlt eq_refl)|].
  2: { eexists (emit (DropFds batch) _), _. split; [done|]. split; [done|]. split; [done|]. right. auto. }
  unfold op_get. cbn [op_bind]. set (p1 := requeue p q) in *.
  destruct (Z.eq_dec (read_count (ends (pipe p))) 0) as [Er|Er].
  - rewrite (bind_ok _ _ _ _ _ (write_closed p1 data Er)). unfold the_ring, op_get. cbn [op_bind]. rewrite Nat.eqb_refl.
    destruct (orphaned_read (ends (pipe p1))); [destruct data; [done|]|]; eexists (emit (DropFds batch) p1), _;
      (split; [reflexivity|]); (split; [done|]); (split; [done|]); right; auto.
  - assert (0 < read_count (ends (pipe p1))) as Hr by (simpl; destruct (pk_reads _ Hok); lia).
    destruct (write_open p1 data Hok1 Hr) as (r & Ew & Hw & _). rewrite (bind_ok _ _ _ _ _ Ew).
    pose proof (wrote_ok _ _ _ _ Hok1 Hr Hw) as Hok2. destruct Hw as (Hring & _ & Hl & Hc & Hm & Hcap).
    unfold the_ring, op_get. cbn [op_bind]. change (written (pipe p1) data) with (written (pipe p) data) in *.
    simpl. destruct (Nat.eqb_spec (written (pipe p) data) 0) as [En|En].
    + eexists (emit (DropFds batch) (put_ring r p1)), _. split; [done|]. split; [done|]. split; [done|]. right.
      change (pipe (emit (DropFds batch) (put_ring r p1))) with (set_ring (pipe p1) r).
      rewrite Hc, Hm, Hc1, Hm1, En, take_0, app_nil_r. auto.
    + rewrite Hl. simpl. rewrite (proj2 (Nat.eqb_neq _ _)) by lia.
      pose proof (rk_pos _ Hring) as P1. pose proof (rk_end _ Hring) as P2. simpl in P1, P2. rewrite Hl in P2. simpl in P2.
      unfold op_some, checked_add. cbn [op_bind]. unfold op_bind at 1.
      rewrite (proj2 (Z.leb_le (stream_position r + Z.of_nat (len (ring (pipe p)))) u64_max)) by lia.
      unfold op_bind at 1. rewrite (proj2 (Z.leb_le _ u64_max)) by lia.
      destruct (push_batch (put_ring r p1) (stream_position r + Z.of_nat (len (ring (pipe p))))
        (stream_position r + Z.of_nat (len (ring (pipe p))) + Z.of_nat (written (pipe p) data)) batch Hok2)
        as (p' & Ep & Hlog & Hends & Hidx & Hcp & Hok3 & Hc3 & Hm3); try done; try lia;
        change (ring (pipe (put_ring r p1))) with r in *; change (pipe (put_ring r p1)) with (set_ring (pipe p1) r) in *.
      { unfold IoBuffer.len in *. rewrite Hcap. simpl.
        assert (length (values (ancillary_fds r)) = length (values q)) as ->; [|done].
        rewrite <- (length_map (mark (stream_position r))). change (map _ _) with (marks (set_ring (pipe p1) r)).
        rewrite Hm. apply length_map. }
      { rewrite Hl. simpl. lia. }
      { rewrite Hm, Hm1. replace (_ + _ - _) with (Z.of_nat (len (ring (pipe p)))) by lia.
        apply (rk_marks _ (pk_ring _ Hok)). }
      rewrite (bind_ok _ _ _ _ _ Ep). simpl. eexists _, _. split; [reflexivity|]. split; [done|].
      split; [|left; split_and!; try done; try lia].
      * unfold on_ancillary in Ep. case_match; [|done]. destruct p0. simplify_eq. done.
      * simpl. by rewrite Hlog, Hidx.
      * change (contents (pipe p') = contents (pipe p) ++ take (written (pipe p) data) data). by rewrite Hc3, Hc, Hc1.
      * etransitivity; [exact Hm3|]. rewrite Hm, Hm1. f_equal. f_equal. f_equal. f_equal; lia.
Qed.

(** *** Reading *)

(** The bytes a receive of [n] delivers: it stops at the end of the first
    batch it enters. *)
Definition segment (n : nat) b : nat :=
  let m := Nat.min n (len (ring b)) in
  match marks b with
  | (s, e, _) :: _ => if s <? Z.of_nat m then Nat.min m (Z.to_nat e) else m
  | [] => m
  end.

Definition enters (k : nat) b : bool :=
  match marks b with (s, _, _) :: _ => s <? Z.of_nat k | [] => false end.

Lemma segment_le n b : (segment n b <= Nat.min n (len (ring b)))%nat.
Proof. unfold segment. repeat case_match; lia. Qed.

Lemma first_mark b s e f l : ring_ok b -> marks b = (s, e, f) :: l ->
  0 <= s < e /\ e <= Z.of_nat (len (ring b)) /\ ranges_ok e (Z.of_nat (len (ring b))) l
  /\ exists a rest, values (ancillary_fds (ring b)) = a :: rest /\ start a = stream_position (ring b) + s
       /\ last a = stream_position (ring b) + e /\ fds a = f /\ map (mark (stream_position (ring b))) rest = l.
Proof.
  intros [] E. rewrite E in rk_marks0. destruct rk_marks0 as (H1 & H2 & _ & H3). pose proof (ranges_bound _ _ _ H3).
  split_and!; try lia; [done|]. unfold marks in E. destruct (values _) as [|a rest]; [done|]. simplify_eq/=.
  unfold mark in *. simplify_eq. exists a, rest. split_and!; try done; lia.
Qed.

Lemma no_marks b : marks b = [] -> values (ancillary_fds (ring b)) = [].
Proof. unfold marks. intros H. by destruct (values _). Qed.

Lemma message_read_len_spec p n : ring_ok (pipe p) -> message_read_len n p = Some (p, Ok (segment n (pipe p))).
Proof.
  intros Hr. pose proof Hr as [L1 L2 _ _ L5 L6 _ _]. unfold message_read_len, the_ring, op_get, segment, front.
  cbn [op_bind]. destruct (marks (pipe p)) as [|[[s e] f] l] eqn:Em.
  { by rewrite (no_marks _ Em). }
  destruct (first_mark _ _ _ _ _ Hr Em) as (H1 & H2 & _ & a & rest & -> & H3 & H4 & _). simpl.
  unfold op_some, checked_add. unfold op_bind at 1.
  rewrite (proj2 (Z.leb_le _ u64_max)) by lia. rewrite H3.
  destruct (Z.ltb_spec s (Z.of_nat (n `min` len (ring (pipe p))))).
  - rewrite (proj2 (Z.ltb_lt _ _)) by lia. unfold checked_sub, op_bind. rewrite H4, (proj2 (Z.leb_le _ _)) by lia.
    replace (stream_position (ring (pipe p)) + e - stream_position (ring (pipe p))) with e by lia.
    unfold op_ret, as_u32. rewrite Z.mod_small; [done|]. unfold usize_max, u32_max in L2. lia.
  - by rewrite (proj2 (Z.ltb_ge _ _)) by lia.
Qed.

Lemma crosses_spec b k : ring_ok b -> crosses (ring b) (stream_position (ring b) + Z.of_nat k) = enters k b.
Proof.
  intros Hr. unfold crosses, enters, front. destruct (marks b) as [|[[s e] f] l] eqn:Em.
  { by rewrite (no_marks _ Em). }
  destruct (first_mark _ _ _ _ _ Hr Em) as (_ & _ & _ & a & rest & -> & E & _). simpl. rewrite E.
  destruct (Z.ltb_spec s (Z.of_nat k)); [apply Z.ltb_lt|apply Z.ltb_ge]; lia.
Qed.

Lemma prepared_nonempty b k : pipe_ok b -> (k <= len (ring b))%nat -> k <> 0%nat -> prepared b.
Proof. intros [] H1 H2. destruct pk_buffer0 as [|[? _]]; [done|lia]. Qed.

Lemma copy_from_head_spec p k : pipe_ok (pipe p) -> (k <= len (ring (pipe p)))%nat ->
  copy_from_head k p = Some (p, Ok (take k (contents (pipe p)))).
Proof.
  intros Hok Hk. unfold copy_from_head. destruct (Nat.eqb_spec k 0) as [->|Hk0]; [by rewrite take_0|].
  pose proof (prepared_nonempty _ _ Hok Hk Hk0) as Hp. destruct (pk_ring _ Hok).
  unfold prepared, modulus in *. rewrite Nat.max_r in rk_head0 by lia. unfold op_get, op_assert. cbn [op_bind].
  unfold op_bind at 1. rewrite (proj2 (Nat.leb_le _ _)) by lia. unfold contents, rotate_buf.
  rewrite take_take, (Nat.min_l k (len (ring (pipe p)))) by done.
  set (r := ring (pipe p)) in *. unfold get_slice, op_some.
  rewrite bool_decide_eq_true_2 by lia. unfold op_bind at 1.
  destruct (Nat.ltb_spec (Nat.min (capacity (pipe p) - head r) k) k) as [Hw|Hw].
  - rewrite bool_decide_eq_true_2 by lia. unfold op_bind.
    rewrite take_app_ge by (rewrite length_drop; lia). rewrite length_drop, Hp, drop_0, take_take.
    rewrite (Nat.min_l (capacity (pipe p) - head r) k) by lia. rewrite take_ge by (rewrite length_drop; lia).
    by rewrite (Nat.min_l _ (head r)) by lia.
  - rewrite Nat.min_r by lia. rewrite take_app_le; [done|]. rewrite length_drop. lia.
Qed.

Definition shift (k : nat) (m : Z * Z * list F) : Z * Z * list F :=
  (fst (fst m) - Z.of_nat k, snd (fst m) - Z.of_nat k, snd m).

Lemma ranges_shift k lo hi l : ranges_ok lo hi l -> ranges_ok (lo - Z.of_nat k) (hi - Z.of_nat k) (map (shift k) l).
Proof. revert lo. induction l as [|[[s e] f] l IH]; intros lo; simpl; [lia|]. intros (? & ? & ? & ?). split_and!; auto; lia. Qed.

Lemma consume_spec p k : pipe_ok (pipe p) -> (k <= len (ring (pipe p)))%nat ->
  ranges_ok (Z.of_nat k) (Z.of_nat (len (ring (pipe p)))) (marks (pipe p)) ->
  exists p', consume_from_head k p = Some (p', Ok tt) /\ pipe_ok (pipe p') /\ ring_only p p'
    /\ contents (pipe p') = drop k (contents (pipe p)) /\ marks (pipe p') = map (shift k) (marks (pipe p))
    /\ log p' = log p ++ (if (k =? 0)%nat then [] else [Wake (pipe_idx (pipe p)) Writable]).
Proof.
  intros Hok Hk Hm. unfold consume_from_head. destruct (Nat.eqb_spec k 0) as [->|Hk0].
  { exists p. split; [done|]. split; [done|]. split; [by destruct p as [[] ?]|]. split; [done|].
    rewrite app_nil_r. split; [|done]. symmetry. etransitivity; [|apply map_id]. apply map_ext. intros [[s e] f].
    unfold shift. simpl. by rewrite !Z.sub_0_r. }
  pose proof (prepared_nonempty _ _ Hok Hk Hk0) as Hp.
  pose proof (pk_ring _ Hok) as Hring. pose proof Hring as [L1 L2 L3 L4 _ _ _ _].
  destruct (ensure_room_spec p 0 Hring) as (q & pos & E1 & H0 & H1 & H2 & H3 & H4); [lia|].
  rewrite (bind_ok _ _ _ _ _ E1). set (r := ring (pipe p)) in *.
  set (r1 := mkRing (buf r) (head r) (tail r) (len r) pos q) in *. unfold op_get. cbn [op_bind].
  unfold op_bind at 1, op_assert. change (ring (pipe (put_ring r1 p))) with r1.
  change (capacity (pipe (put_ring r1 p))) with (capacity (pipe p)). simpl.
  rewrite (proj2 (Nat.eqb_neq (capacity (pipe p)) 0)), (proj2 (Nat.leb_le k (len r))) by lia. simpl.
  unfold op_some, checked_add. unfold op_bind at 1. rewrite (proj2 (Z.leb_le _ u64_max)) by lia.
  unfold op_bind, op_modify. eexists. split; [reflexivity|].
  unfold modulus in L3, L4. rewrite Nat.max_r in L3, L4 by lia.
  set (p' := push_wake Writable _).
  assert (marks (pipe p') = map (shift k) (marks (pipe p))) as Hm'.
  { rewrite <- H2. unfold marks. simpl. rewrite map_map. apply map_ext. intros a. unfold mark, shift. simpl.
    f_equal. f_equal; lia. }
  assert (ranges_ok 0 (Z.of_nat (len r - k)) (marks (pipe p'))) as Hrm.
  { rewrite Hm'. pose proof (ranges_shift k _ _ _ Hm) as Hs. rewrite Z.sub_diag in Hs.
    by replace (Z.of_nat (len r - k)) with (Z.of_nat (len r) - Z.of_nat k) by lia. }
  assert (ring_ok (pipe p')) as Hr'.
  { split; try exact Hrm; simpl; unfold modulus; simpl; try done; try lia.
    - rewrite Nat.max_r by lia. apply Nat.mod_upper_bound. lia.
    - rewrite Nat.max_r by lia. rewrite Nat.Div0.add_mod_idemp_l. rewrite L4. f_equal. lia. }
  split; [|split; [reflexivity|split; [|split; [exact Hm'|]]]].
  - apply (put_ring_ok p _ Hok Hr'); [done|]. intros Hc. destruct (pk_closed _ Hok Hc) as [Hl _]. fold r in Hl. lia.
  - apply list_eq. intros i. rewrite lookup_drop. destruct (decide (i < len r - k)%nat) as [Hi|Hi].
    + rewrite !contents_lookup by (done || (fold r; lia)). simpl. fold r. f_equal.
      rewrite slot_mod by lia. rewrite (slot_after _ _ k (k + i)) by lia. f_equal. lia.
    + rewrite !lookup_ge_None_2; [done|..]; rewrite length_contents by auto; simpl; fold r; lia.
  - done.
Qed.

Lemma ranges_lower l lo lo' hi : lo' <= lo -> ranges_ok lo hi l -> ranges_ok lo' hi l.
Proof. destruct l as [|[[s e] f] l]; simpl; [lia|]. intros H (? & ? & ? & ?). split_and!; auto; lia. Qed.

Lemma pop_ok p m l : pipe_ok (pipe p) -> marks (pipe p) = m :: l ->
  let p1 := requeue p (fst (pop_front (ancillary_fds (ring (pipe p))))) in
  pipe_ok (pipe p1) /\ contents (pipe p1) = contents (pipe p) /\ marks (pipe p1) = l.
Proof.
  intros Hok Em p1. destruct m as [[s e] f]. pose proof (pk_ring _ Hok) as Hring.
  destruct (first_mark _ _ _ _ _ Hring Em) as (H1 & H2 & H3 & a & rest & Ev & _ & _ & _ & Hl).
  assert (marks (pipe p1) = l) as Hm.
  { unfold p1, pop_front. rewrite Ev. simpl. exact Hl. }
  split_and!; [|done|done]. apply (put_ring_ok p _ Hok); [|done|].
  - assert (ranges_ok 0 (Z.of_nat (len (ring (pipe p)))) (marks (pipe p1))) as Hrm.
    { rewrite Hm. eapply ranges_lower; [|done]. lia. }
    destruct Hring. split; try exact Hrm; simpl; try done. unfold pop_front, buf_ok, IoBuffer.len in *.
    rewrite Ev in *. simpl in *. lia.
  - simpl. intros Hc. destruct (pk_closed _ Hok Hc) as [? Hn]. rewrite Hn in Ev. done.
Qed.

(** The batch a receive of [k] bytes takes, and what stays queued. *)
Definition taken (k : nat) b : option (list F) :=
  match marks b with (s, _, f) :: _ => if s <? Z.of_nat k then Some f else None | [] => None end.
Definition remaining (k : nat) b : list (Z * Z * list F) :=
  map (shift k) (if enters k b then List.tl (marks b) else marks b).

Lemma taken_enters k b : enters k b = match taken k b with Some _ => true | None => false end.
Proof. unfold enters, taken. destruct (marks b) as [|[[s e] f] l]; [done|]. by destruct (s <? _). Qed.

(** The state before the bytes are consumed. *)
Definition popped (k : nat) p : Pipe F D :=
  if enters k (pipe p) then requeue p (fst (pop_front (ancillary_fds (ring (pipe p))))) else p.

Lemma popped_spec n p : pipe_ok (pipe p) -> let k := segment n (pipe p) in let p1 := popped k p in
  pipe_ok (pipe p1) /\ ring_only p p1 /\ log p1 = log p /\ len (ring (pipe p1)) = len (ring (pipe p))
  /\ contents (pipe p1) = contents (pipe p)
  /\ marks (pipe p1) = (if enters k (pipe p) then List.tl (marks (pipe p)) else marks (pipe p))
  /\ ranges_ok (Z.of_nat k) (Z.of_nat (len (ring (pipe p)))) (marks (pipe p1)).
Proof.
  intros Hok k p1. pose proof (pk_ring _ Hok) as Hring. pose proof (segment_le n (pipe p)) as Hle. fold k in Hle.
  unfold p1, popped. destruct (enters k (pipe p)) eqn:Ee; unfold enters in Ee.
  - destruct (marks (pipe p)) as [|[[s e] f] l] eqn:Em; [done|]. apply Z.ltb_lt in Ee.
    destruct (pop_ok p _ _ Hok Em) as (H1 & H2 & H3). split_and!; try done. rewrite H3.
    destruct (first_mark _ _ _ _ _ Hring Em) as (H4 & H5 & H6 & _). eapply ranges_lower; [|done].
    unfold k, segment in *. rewrite Em in *. destruct (Z.ltb_spec s (Z.of_nat (n `min` len (ring (pipe p))))); lia.
  - split_and!; try done; [by destruct p as [[] ?]|].
    pose proof (rk_marks _ Hring) as Hm. destruct (marks (pipe p)) as [|[[s e] f] l]; simpl in *; [lia|].
    apply Z.ltb_ge in Ee. naive_solver.
Qed.

Lemma front_taken k p : pipe_ok (pipe p) ->
  match front (ring (pipe p)) with
  | Some a => (start a <? stream_position (ring (pipe p)) + Z.of_nat k) = enters k (pipe p)
              /\ (enters k (pipe p) = true -> taken k (pipe p) = Some (fds a))
  | None => enters k (pipe p) = false
  end.
Proof.
  intros Hok. pose proof (pk_ring _ Hok) as Hring. pose proof (crosses_spec (pipe p) k Hring) as Hc.
  unfold crosses, front in *. unfold taken, enters in *. destruct (marks (pipe p)) as [|[[s e] f] l] eqn:Em.
  { by rewrite (no_marks _ Em). }
  destruct (first_mark _ _ _ _ _ Hring Em) as (_ & _ & _ & a & rest & Ev & _ & _ & Hf & _). rewrite Ev in *. simpl in *.
  split; [done|]. intros ->. by rewrite Hf.
Qed.

Lemma room_to_read p k : ring_ok (pipe p) -> (k <= len (ring (pipe p)))%nat ->
  checked_add u64_max (stream_position (ring (pipe p))) (Z.of_nat k)
  = Some (stream_position (ring (pipe p)) + Z.of_nat k).
Proof. intros [] Hk. unfold checked_add. by rewrite (proj2 (Z.leb_le _ _)) by lia. Qed.

(** The effect of consuming [segment n] bytes, with or without keeping the
    batch. *)
Definition consumed (k : nat) p p' : Prop :=
  pipe_ok (pipe p') /\ ring_only p p' /\ contents (pipe p') = drop k (contents (pipe p))
  /\ marks (pipe p') = remaining k (pipe p).
Definition writable_wake (k : nat) p : list (event F) :=
  if (k =? 0)%nat then [] else [Wake (pipe_idx (pipe p)) Writable].

Lemma consume_popped n p l0 : pipe_ok (pipe p) -> let k := segment n (pipe p) in
  let p1 := mkCtx (pipe (popped k p)) (log p ++ l0) in
  exists p', consume_from_head k p1 = Some (p', Ok tt) /\ consumed k p p' /\ log p' = log p ++ l0 ++ writable_wake k p.
Proof.
  intros Hok k p1. destruct (popped_spec n p Hok) as (H1 & H2 & H3 & H4 & H5 & H6 & H7). fold k in H1, H2, H3, H4, H5, H6, H7.
  destruct (consume_spec p1 k) as (p' & E & H8 & H9 & H10 & H11 & H12); simpl; rewrite ?H4; try done.
  { pose proof (segment_le n (pipe p)) as Hle. fold k in Hle. lia. }
  exists p'. split; [done|]. simpl in *. split.
  - split_and!; [done| |by rewrite H10, H5|].
    + eapply (ring_only_trans _ (popped k p)); [done|]. exact H9.
    + rewrite H11. unfold remaining. by rewrite <- H6.
  - rewrite H12, <- app_assoc. unfold writable_wake. rewrite H2. done.
Qed.

Lemma recv_message_spec clone n p : pipe_ok (pipe p) -> let b := pipe p in let k := segment n b in
  (recv_message clone n true p =
     match taken k b with
     | None => Some (p, Ok (mkRead (take k (contents b)) false None))
     | Some f => match clone f with
                 | Ok c => Some (p, Ok (mkRead (take k (contents b)) true (Some c)))
                 | Err e => Some (p, Err e)
                 end
     end)
  /\ exists p', recv_message clone n false p = Some (p', Ok (mkRead (take k (contents b)) (enters k b) (taken k b)))
       /\ consumed k p p' /\ log p' = log p ++ writable_wake k p.
Proof.
  intros Hok b k. pose proof (pk_ring _ Hok) as Hring. pose proof (segment_le n b) as Hle. fold k in Hle.
  assert (forall pk, recv_message clone n pk p =
    (do! received <- (match taken k b with
        | Some f => if pk then do! c <- op_lift (clone f); op_ret (Some c)
                    else do! _ <- op_modify (fun _ => popped k p); op_ret (Some f)
        | None => op_ret None end);
     do! out <- copy_from_head k;
     do! _ <- (if pk then op_ret tt else consume_from_head k);
     op_ret (mkRead out (enters k b) received)) p) as E.
  { intros pk. unfold recv_message. rewrite (bind_ok _ _ _ _ _ (message_read_len_spec p n Hring)). fold b k.
    unfold the_ring, op_get. cbn [op_bind]. unfold op_some. fold b. unfold op_bind at 1. unfold b at 1 2.
    rewrite room_to_read by (done || (fold b; lia)). pose proof (front_taken k p Hok) as Hf. fold b in Hf |- *.
    rewrite crosses_spec by done. pose proof (taken_enters k b) as Ht. unfold popped. fold b.
    destruct (front (ring b)) as [a|]; [destruct Hf as [-> Hf]|rewrite Hf in *].
    - destruct (enters k b) eqn:Ee; [|by destruct (taken k b)]. rewrite (Hf eq_refl). by destruct pk.
    - by destruct (taken k b). }
  split.
  - rewrite E, taken_enters. destruct (taken k b) as [f|]; [destruct (clone f) as [c|e]; [|done]|];
      unfold op_bind, op_lift, op_ret; rewrite copy_from_head_spec by (done || (fold b; lia)); done.
  - rewrite E. destruct (consume_popped n p [] Hok) as (p' & E1 & H1 & H2). fold b k in E1, H1, H2.
    rewrite app_nil_r in E1. destruct (popped_spec n p Hok) as (P1 & _ & P3 & P4 & P5 & _). fold b k in P1, P3, P4, P5.
    exists p'. split; [|done].
    assert (mkCtx (pipe (popped k p)) (log p) = popped k p) as Ep by (rewrite <- P3; by destruct (popped k p)).
    rewrite Ep in E1.
    assert (copy_from_head k (popped k p) = Some (popped k p, Ok (take k (contents b)))) as E2.
    { rewrite copy_from_head_spec by (done || (rewrite P4; fold b; lia)). by rewrite P5. }
    pose proof (taken_enters k b) as Ht.
    destruct (taken k b) as [f|].
    + unfold op_bind, op_modify, op_ret. by rewrite E2, E1.
    + assert (popped k p = p) as Ep' by (unfold popped; fold b; by rewrite Ht). rewrite Ep' in *.
      unfold op_bind, op_ret. by rewrite E2, E1.
Qed.

Lemma recv_plain_spec n p : pipe_ok (pipe p) -> let b := pipe p in let k := segment n b in
  recv_plain n true p = Some (p, Ok (take k (contents b), enters k b))
  /\ exists p', recv_plain n false p = Some (p', Ok (take k (contents b), enters k b)) /\ consumed k p p'
       /\ log p' = log p ++ match taken k b with Some f => [DropFds f] | None => [] end ++ writable_wake k p.
Proof.
  intros Hok b k. pose proof (pk_ring _ Hok) as Hring. pose proof (segment_le n b) as Hle. fold k in Hle.
  unfold recv_plain. rewrite !(bind_ok _ _ _ _ _ (message_read_len_spec p n Hring)). fold b k.
  unfold the_ring, op_get. cbn [op_bind]. unfold op_some. fold b. unfold op_bind at 1. unfold op_bind at 3.
  unfold b at 1 2 5 6. rewrite room_to_read by (done || (fold b; lia)). fold b. rewrite crosses_spec by done.
  rewrite !(bind_ok _ _ _ _ _ (copy_from_head_spec p k Hok ltac:(fold b; lia))). fold b. split; [done|].
  set (l0 := match taken k b with Some f => [DropFds f] | None => [] end).
  destruct (consume_popped n p l0 Hok) as (p' & E1 & H1 & H2). fold b k in E1, H1, H2.
  exists p'. split; [|done]. destruct (popped_spec n p Hok) as (_ & _ & P3 & _). fold b k in P3.
  pose proof (front_taken k p Hok) as Hf. fold b in Hf. pose proof (taken_enters k b) as Ht. unfold op_bind.
  match goal with |- match match ?m p with _ => _ end with _ => _ end = _ =>
    assert (m p = Some (mkCtx (pipe (popped k p)) (log p ++ l0), Ok tt)) as Em end.
  { unfold popped, l0. fold b. destruct (front (ring b)) as [a|]; [destruct Hf as [-> Hf]|rewrite Hf in *].
    - destruct (enters k b) eqn:Ee; [by rewrite (Hf eq_refl)|]. destruct (taken k b); [done|].
      unfold op_ret. rewrite app_nil_r. by destruct p.
    - destruct (taken k b); [done|]. unfold op_ret. rewrite app_nil_r. by destruct p. }
  rewrite Em, E1. done.
Qed.

(** *** The other methods *)

(** The part of a pipe its invariant speaks of. *)
Definition core b : nat * bool * Ring F * Z * Z * bool :=
  (capacity b, reserved b, ring b, read_count (ends b), write_count (ends b), is_fifo (fifo b)).

Lemma pipe_ok_core b b' : core b' = core b -> pipe_ok b -> pipe_ok b'.
Proof.
  destruct b as [c rs i r [] [] s], b' as [c' rs' i' r' [] [] s']. unfold core. simpl. intros [= -> -> -> -> -> ->] [].
  split; [destruct pk_ring0; split; done|done..].
Qed.

(** A pipe whose bytes and batches are discarded. *)
Lemma reset_ok p r : pipe_ok (pipe p) -> buf r = buf (ring (pipe p)) -> head r = 0%nat -> tail r = 0%nat -> len r = 0%nat ->
  values (ancillary_fds r) = [] -> 0 <= IoBuffer.capacity (ancillary_fds r) ->
  0 <= stream_position r <= u64_max -> pipe_ok (pipe (put_ring r p)).
Proof.
  intros Hok Hb Hh Ht Hl Hv Hc Hp. pose proof (pk_ring _ Hok) as []. apply put_ring_ok; [done| |by rewrite Hb|done].
  split; simpl; rewrite ?Hh, ?Ht, ?Hl; unfold modulus; simpl; try lia; try done.
  - rewrite Nat.mod_0_l; [done|lia].
  - unfold marks. simpl. rewrite Hv. simpl. lia.
  - unfold buf_ok, IoBuffer.len. rewrite Hv. simpl. lia.
Qed.

Definition cleared r : Ring F := mkRing (buf r) 0 0 0 (stream_position r) (clear (ancillary_fds r)).

Lemma queue_capacity b : pipe_ok b -> 0 <= IoBuffer.capacity (ancillary_fds (ring b)).
Proof. intros [[] _ _ _ _ _]. unfold buf_ok, IoBuffer.len in *. lia. Qed.

Lemma position_bounds b : pipe_ok b -> 0 <= stream_position (ring b) <= u64_max.
Proof. intros [[] _ _ _ _ _]. lia. Qed.

Lemma cleared_ok p : pipe_ok (pipe p) -> pipe_ok (pipe (put_ring (cleared (ring (pipe p))) p)).
Proof. intros H. apply reset_ok; try done; [by apply queue_capacity|by apply position_bounds]. Qed.

Lemma shutdown_read_ok p : pipe_ok (pipe p) -> pipe_ok (pipe (shutdown_read p)).
Proof. intros H. unfold shutdown_read. case_match; [done|]. eapply pipe_ok_core; [|apply cleared_ok, H]. done. Qed.

Lemma reset_stream_ok e p : pipe_ok (pipe p) -> pipe_ok (pipe (reset_stream e p)).
Proof. intros H. unfold reset_stream. case_match; [done|]. eapply pipe_ok_core; [|apply cleared_ok, H]. done. Qed.

(** Changing the counts, when the end of the last reader has cleared the
    ring. *)
Lemma put_ends_ok p e : pipe_ok (pipe p) -> 0 <= read_count e <= u32_max -> 0 <= write_count e <= u32_max ->
  (read_count e = 0 -> len (ring (pipe p)) = 0%nat /\ values (ancillary_fds (ring (pipe p))) = []) ->
  prepared (pipe p) \/ read_count e = 0 /\ write_count e = 0 /\ is_fifo (fifo (pipe p)) = true ->
  pipe_ok (pipe (put_ends e p)).
Proof. intros [] H1 H2 H3 H4. split; simpl; [destruct pk_ring0; by split|done..| |done]. unfold prepared in *. simpl. naive_solver. Qed.

Lemma release_idle_ok b : pipe_ok b -> pipe_ok (release_fifo_buffer_if_idle b).
Proof.
  intros Hok. unfold release_fifo_buffer_if_idle. destruct (is_fifo (fifo b)) eqn:E1; [|done]. simpl.
  destruct (Z.eqb_spec (read_count (ends b)) 0) as [E2|]; [|done].
  destruct (Z.eqb_spec (write_count (ends b)) 0) as [E3|]; [|done]. simpl.
  destruct (pk_closed _ Hok E2) as [Hl Hv]. destruct Hok as [[] ? ? ? ? ?]. split; simpl; [by split|done..| |by right]. by right.
Qed.

Lemma pred_bounds n : 0 <= n <= u32_max -> 0 <= pred_u32 n <= u32_max.
Proof. unfold pred_u32, saturating_sub. lia. Qed.

Lemma forget_stream_core p : core (pipe (forget_stream p)) =
  core (pipe (put_ring (mkRing (buf (ring (pipe p))) 0 0 0 0 (clear (ancillary_fds (ring (pipe p))))) p)).
Proof. done. Qed.

(** Both ways of closing a read end. *)
Lemma close_read_ok p o : pipe_ok (pipe p) ->
  let e := ends (pipe p) in let n := pred_u32 (read_count e) in
  let p1 := put_ends (mkEnds n (write_count e) (in_flight_read_count e) (in_flight_write_count e) o) p in
  pipe_ok (release_fifo_buffer_if_idle (pipe (if n =? 0 then forget_stream p1 else p1))).
Proof.
  intros Hok e n p1. apply release_idle_ok. pose proof (pred_bounds _ (pk_reads _ Hok)) as Hn. fold e n in Hn.
  destruct (Z.eqb_spec n 0) as [E|E].
  - pose proof (reset_ok p (mkRing (buf (ring (pipe p))) 0 0 0 0 (clear (ancillary_fds (ring (pipe p))))) Hok) as H.
    simpl in H. specialize (H eq_refl eq_refl eq_refl eq_refl eq_refl (queue_capacity _ Hok) ltac:(unfold u64_max; lia)).
    eapply pipe_ok_core; [apply forget_stream_core|]. destruct H as [[] ? ? ? ? ?]. split; simpl in *; [by split|done..| |done].
    unfold prepared in *. simpl in *. naive_solver.
  - assert (read_count e <> 0) by (unfold n, pred_u32, saturating_sub in *; lia).
    apply put_ends_ok; simpl; try done; [apply (pk_writes _ Hok)|].
    left. destruct (pk_buffer _ Hok) as [|(_ & _ & ? & _)]; [done|]. done.
Qed.

Lemma close_read_end_ok p : pipe_ok (pipe p) -> pipe_ok (pipe (close_read_end p)).
Proof.
  intros Hok. unfold close_read_end. set (p0 := if read_count (ends (pipe p)) =? 1 then notify Writable 24 p else p).
  assert (pipe p0 = pipe p) as E by (unfold p0; by case_match).
  assert (pipe_ok (pipe p0)) as H0 by (by rewrite E).
  pose proof (close_read_ok p0 (if pred_u32 (read_count (ends (pipe p0))) =? 0 then false else orphaned_read (ends (pipe p0))) H0) as H.
  exact H.
Qed.

Lemma close_read_end_orderly_ok p : pipe_ok (pipe p) -> pipe_ok (pipe (close_read_end_orderly p)).
Proof.
  intros Hok. unfold close_read_end_orderly.
  pose proof (close_read_ok p (if pred_u32 (read_count (ends (pipe p))) =? 0 then 0 <? write_count (ends (pipe p))
    else orphaned_read (ends (pipe p))) Hok) as H. exact H.
Qed.

Lemma close_write_end_ok p : pipe_ok (pipe p) -> pipe_ok (pipe (close_write_end p)).
Proof.
  intros Hok. unfold close_write_end. set (p0 := if write_count (ends (pipe p)) =? 1 then notify Readable 24 p else p).
  assert (pipe p0 = pipe p) as E by (unfold p0; by case_match).
  assert (pipe_ok (pipe p0)) as H0 by (by rewrite E). apply release_idle_ok.
  set (e := ends (pipe p0)). pose proof (pred_bounds _ (pk_writes _ H0)) as Hn. fold e in Hn.
  set (e' := mkEnds _ _ _ _ _). assert (pipe_ok (pipe (put_ends e' p0))) as H1.
  { apply put_ends_ok; simpl; try done; [apply (pk_reads _ H0)|apply (pk_closed _ H0)|].
    destruct (pk_buffer _ H0) as [|(? & ? & ? & Hw)]; [by left|right]. split_and!; try done. unfold e. by rewrite Hw. }
  repeat case_match; (apply (pipe_ok_core (pipe (put_ends e' p0))); [reflexivity|exact H1]).
Qed.

Lemma retire_cohort_ok p : pipe_ok (pipe p) -> pipe_ok (pipe (retire_cohort p)).
Proof. intros H. unfold retire_cohort. case_match; [|done]. apply (pipe_ok_core (pipe p)); [reflexivity|exact H]. Qed.

Lemma close_fifo_read_only_ok p : pipe_ok (pipe p) -> pipe_ok (pipe (close_fifo_read_only p)).
Proof. intros H. apply retire_cohort_ok, close_read_end_ok. apply (pipe_ok_core (pipe p)); [reflexivity|exact H]. Qed.

Lemma close_reference_ok k p : pipe_ok (pipe p) -> pipe_ok (pipe (close_reference k p)).
Proof.
  intros H. destruct k as [|[]| |]; cbn [close_reference].
  - apply (pipe_ok_core (pipe p)); [reflexivity|exact H].
  - by apply close_fifo_read_only_ok.
  - by apply close_read_end_ok.
  - by apply close_write_end_ok.
  - by apply close_write_end_ok, close_read_end_ok.
Qed.

Lemma add_end_ok (m : op (Pipe F D) unit) p p' res : m = add_reader \/ m = add_writer -> pipe_ok (pipe p) ->
  prepared (pipe p) -> m p = Some (p', res) -> pipe_ok (pipe p') /\ prepared (pipe p') /\ res = Ok tt.
Proof.
  intros Hm Hok Hp E. pose proof (pk_reads _ Hok). pose proof (pk_writes _ Hok).
  destruct Hm as [-> | ->]; unfold add_reader, add_writer in E.
  - destruct (checked_add_cases u32_max (read_count (ends (pipe p))) 1) as [[E1 ?]|[E1 _]]; rewrite E1 in E; simplify_eq.
    split; [|done]. apply (put_ends_ok p); simpl; try done; try lia. by left.
  - destruct (checked_add_cases u32_max (write_count (ends (pipe p))) 1) as [[E1 ?]|[E1 _]]; rewrite E1 in E; simplify_eq.
    split; [|done]. apply (put_ends_ok p); simpl; try done; try lia; [apply (pk_closed _ Hok)|by left].
Qed.

Lemma cancel_fifo_open_ok o p : pipe_ok (pipe p) -> pipe_ok (pipe (fst (cancel_fifo_open o p))).
Proof.
  intros H. unfold cancel_fifo_open, remove_fifo_open_waiter.
  destruct (fifo_open_waiters (fifo (pipe p)) !! o) as [w|]; [|done]. simpl.
  assert (pipe_ok (pipe (on_fifo (fun f => set_waiters f (delete o (fifo_open_waiters f))) p)))
    by (apply (pipe_ok_core (pipe p)); [reflexivity|exact H]).
  destruct (side w); [by apply retire_cohort_ok, close_read_end_ok|by apply close_write_end_ok].
Qed.

Lemma cancel_from_ok fuel pid o p : pipe_ok (pipe p) -> pipe_ok (pipe (fst (cancel_from fuel pid o p))).
Proof.
  revert o p. induction fuel as [|fuel IH]; intros o p H; [done|]. destruct o as [k|]; [|done].
  cbn [cancel_from].
  pose proof (cancel_fifo_open_ok k p H) as H1. destruct (cancel_fifo_open k p) as [p1 w]. simpl in H1.
  set (next := match List.find _ _ with Some _ => _ | None => _ end).
  pose proof (IH next p1 H1) as H2. by destruct (cancel_from fuel pid next p1).
Qed.

Lemma prepare_fifo_io_ok g b : pipe_ok b -> pipe_ok (fst (prepare_fifo_io g b)).
Proof.
  intros Hok. unfold prepare_fifo_io. destruct (is_fifo (fifo b)); [|done]. destruct (reserved b); [done|].
  simpl. unfold prepare_buffer. case_match; [|done]. destruct g; [|done].
  destruct Hok as [[] ? ? ? ? ?]. split; simpl; [by split|done..| |by left]. left. unfold prepared. simpl. apply length_replicate.
Qed.
End Specs.

(** ** Wakeups

    A method either leaves the readers (the writers) as blocked as they were
    or logs the wakeup that retries them. *)

Section Wakeups.
Context {F D : Type}.
Implicit Types (p q s : Pipe F D) (b : PipeBuffer F D).

Definition quiet_read p q : Prop :=
  (len (ring (pipe p)) = 0%nat -> len (ring (pipe q)) = 0%nat)
  /\ read_error_code (stream (pipe q)) = read_error_code (stream (pipe p))
  /\ (read_end_has_eof (pipe q) = true -> read_end_has_eof (pipe p) = true).
Definition quiet_write p q : Prop :=
  (len (ring (pipe p)) <= len (ring (pipe q)))%nat
  /\ (0 < read_count (ends (pipe p)) -> 0 < read_count (ends (pipe q)))
  /\ write_sealed (stream (pipe q)) = write_sealed (stream (pipe p))
  /\ socket_read_shutdown (stream (pipe q)) = socket_read_shutdown (stream (pipe p)).

Definition announces p q : Prop :=
  pipe_idx (pipe q) = pipe_idx (pipe p) /\ capacity (pipe q) = capacity (pipe p)
  /\ exists new, log q = log p ++ new
       /\ (In (Wake (pipe_idx (pipe p)) Readable) new \/ quiet_read p q)
       /\ (In (Wake (pipe_idx (pipe p)) Writable) new \/ quiet_write p q).

Lemma announces_refl p q : pipe_idx (pipe q) = pipe_idx (pipe p) -> capacity (pipe q) = capacity (pipe p) ->
  log q = log p -> quiet_read p q -> quiet_write p q -> announces p q.
Proof. intros H1 H2 H3 H4 H5. split_and!; [done..|]. exists []. rewrite H3, app_nil_r. auto. Qed.

Lemma announces_trans p q s : announces p q -> announces q s -> announces p s.
Proof.
  intros (I1 & C1 & n1 & L1 & R1 & W1) (I2 & C2 & n2 & L2 & R2 & W2). rewrite I1 in *. split_and!; [done|congruence|].
  exists (n1 ++ n2). rewrite L2, L1, app_assoc, !in_app_iff. split_and!; [done|..].
  - destruct R1 as [|R1]; [auto|]. destruct R2 as [|R2]; [auto|]. right. unfold quiet_read in *.
    destruct R1 as (A1 & A2 & A3), R2 as (B1 & B2 & B3). split_and!; [auto|congruence|auto].
  - destruct W1 as [|W1]; [auto|]. destruct W2 as [|W2]; [auto|]. right. unfold quiet_write in *.
    destruct W1 as (A1 & A2 & A3 & A4), W2 as (B1 & B2 & B3 & B4). split_and!; [lia|auto|congruence..].
Qed.

Lemma quiet_read_refl p : quiet_read p p. Proof. done. Qed.
Lemma quiet_write_refl p : quiet_write p p. Proof. by split_and!. Qed.

Lemma announces_emit e p : announces p (emit e p).
Proof. split_and!; [done..|]. exists [e]. split_and!; [done|by right|right]. by split_and!. Qed.

(** A method that ends with a wakeup of one side only answers for the other. *)
Lemma announces_wake w p q : announces p (mkCtx (pipe p) (log q)) -> pipe_idx (pipe q) = pipe_idx (pipe p) ->
  capacity (pipe q) = capacity (pipe p) ->
  match w with Readable => quiet_write p q | Writable => quiet_read p q end -> announces p (push_wake w q).
Proof.
  intros (_ & _ & new & L & _ & _) I C Hq. simpl in L. split_and!; [done..|]. exists (new ++ [Wake (pipe_idx (pipe p)) w]).
  simpl. rewrite L, I, app_assoc, !in_app_iff. split_and!; [done|..]; destruct w; simpl; auto.
Qed.

(** Only the log: what was logged before the final wakeup. *)
Definition logs p q : Prop := exists new, log q = log p ++ new.
Lemma logs_announces p q : logs p q -> announces p (mkCtx (pipe p) (log q)).
Proof. intros [new L]. split_and!; [done..|]. exists new. split_and!; [done|by right|right]. by split_and!. Qed.

Lemma logs_emit e p q : logs p q -> logs p (emit e q).
Proof. intros [new L]. exists (new ++ [e]). simpl. by rewrite L, app_assoc. Qed.
Lemma logs_refl p q : log q = log p -> logs p q.
Proof. intros L. exists []. by rewrite app_nil_r. Qed.

Ltac solve_logs :=
  repeat first [apply logs_emit | progress cbn [log on_pipe put_ring put_ends on_fifo put_stream push_wake notify emit]];
  first [by apply logs_refl | by eexists; rewrite <- ?app_assoc; reflexivity | idtac].

Lemma on_fifo_announces g p : (forall f, is_fifo (g f) = is_fifo f) -> announces p (on_fifo g p).
Proof. intros Hg. apply announces_refl; [done..|]. by split_and!. Qed.

Lemma stream_methods_announce e p :
  announces p (shutdown_read p) /\ announces p (shutdown_write p) /\ announces p (seal_writes p)
  /\ announces p (fail_reads_after_buffered e p) /\ announces p (finish_writes p) /\ announces p (reset_stream e p)
  /\ announces p (fst (take_stream_error p)).
Proof.
  split_and!.
  - unfold shutdown_read. destruct (socket_read_shutdown (stream (pipe p))); [by apply announces_refl|].
    split_and!; [done..|]. eexists. split_and!; [simpl; rewrite <- !app_assoc; reflexivity|left; simpl; auto 10..].
  - unfold shutdown_write. destruct (socket_write_shutdown (stream (pipe p))); [by apply announces_refl|].
    split_and!; [done..|]. eexists. split_and!; [simpl; rewrite <- !app_assoc; reflexivity|left; simpl; auto 10|right; by split_and!].
  - split_and!; [done..|]. eexists. split_and!; [simpl; rewrite <- !app_assoc; reflexivity|by right|left; simpl; auto 10].
  - split_and!; [done..|]. eexists. split_and!; [simpl; rewrite <- !app_assoc; reflexivity|left; simpl; auto 10|right; by split_and!].
  - split_and!; [done..|]. eexists. split_and!; [simpl; rewrite <- !app_assoc; reflexivity|left; simpl; auto 10|right; by split_and!].
  - unfold reset_stream. destruct (negb _); [by apply announces_refl|].
    split_and!; [done..|]. eexists. split_and!; [simpl; rewrite <- !app_assoc; reflexivity|left; simpl; auto 10..].
  - by apply announces_refl.
Qed.

Lemma release_idle_fields b : let b' := release_fifo_buffer_if_idle b in
  capacity b' = capacity b /\ pipe_idx b' = pipe_idx b /\ ends b' = ends b /\ stream b' = stream b /\ fifo b' = fifo b
  /\ len (ring b') = len (ring b).
Proof. unfold release_fifo_buffer_if_idle. by case_match. Qed.

Lemma close_read_announces p p0 o : pipe p0 = pipe p -> logs p p0 ->
  let e := ends (pipe p0) in let n := pred_u32 (read_count e) in
  let p1 := put_ends (mkEnds n (write_count e) (in_flight_read_count e) (in_flight_write_count e) o) p0 in
  announces p (push_wake Writable (on_pipe release_fifo_buffer_if_idle (if n =? 0 then forget_stream p1 else p1))).
Proof.
  intros E L e n p1. set (p2 := if n =? 0 then forget_stream p1 else p1).
  destruct (release_idle_fields (pipe p2)) as (R1 & R2 & R3 & R4 & R5 & R6).
  assert (capacity (pipe p2) = capacity (pipe p) /\ pipe_idx (pipe p2) = pipe_idx (pipe p) /\ stream (pipe p2) = stream (pipe p)
    /\ write_count (ends (pipe p2)) = write_count (ends (pipe p)) /\ logs p p2
    /\ (len (ring (pipe p)) = 0%nat -> len (ring (pipe p2)) = 0%nat)) as (H1 & H2 & H3 & H4 & H5 & H6).
  { unfold p2, p1, e. destruct (n =? 0); simpl; rewrite E; split_and!; try done; by repeat apply logs_emit. }
  apply announces_wake; simpl; [apply logs_announces; exact H5|congruence..|].
  unfold quiet_read, read_end_has_eof, is_write_end_open. simpl. rewrite R6, R4, R3, H4, H3. auto.
Qed.

Lemma close_read_end_announces p : announces p (close_read_end p).
Proof.
  unfold close_read_end. destruct (read_count (ends (pipe p)) =? 1).
  - apply (close_read_announces p (notify Writable 24 p)); [done|]. apply logs_emit. by apply logs_refl.
  - apply (close_read_announces p p); [done|]. by apply logs_refl.
Qed.

Lemma close_read_end_orderly_announces p : announces p (close_read_end_orderly p).
Proof. apply (close_read_announces p p); [done|]. by apply logs_refl. Qed.

Lemma close_write_end_announces p : announces p (close_write_end p).
Proof.
  unfold close_write_end. set (p0 := if write_count (ends (pipe p)) =? 1 then notify Readable 24 p else p).
  assert (pipe p0 = pipe p /\ logs p p0) as [E L].
  { unfold p0. case_match; split; try done; [apply logs_emit|]; by apply logs_refl. }
  set (p2 := if pred_u32 _ =? 0 then _ else _). destruct (release_idle_fields (pipe p2)) as (R1 & R2 & R3 & R4 & R5 & R6).
  assert (capacity (pipe p2) = capacity (pipe p) /\ pipe_idx (pipe p2) = pipe_idx (pipe p) /\ stream (pipe p2) = stream (pipe p)
    /\ read_count (ends (pipe p2)) = read_count (ends (pipe p)) /\ logs p p2
    /\ len (ring (pipe p2)) = len (ring (pipe p))) as (H1 & H2 & H3 & H4 & H5 & H6).
  { unfold p2. repeat case_match; simpl; rewrite ?E; by split_and!. }
  apply announces_wake; simpl; [apply logs_announces; exact H5|congruence..|].
  unfold quiet_write. simpl. rewrite R6, R4, R3, H4, H3, H6. by split_and!.
Qed.

Lemma add_end_announces (m : op (Pipe F D) unit) p q res : m = add_reader \/ m = add_writer ->
  m p = Some (q, res) -> announces p q.
Proof.
  intros Hm E. destruct Hm as [-> | ->]; unfold add_reader, add_writer in E; case_match eqn:Ec; simplify_eq;
    (apply announces_wake; [apply logs_announces, logs_refl; done|done|done|]).
  - by split_and!.
  - unfold checked_add in Ec. case_match; simplify_eq. by split_and!.
Qed.

Lemma retire_cohort_announces p : announces p (retire_cohort p).
Proof. unfold retire_cohort. case_match; [by apply on_fifo_announces|by apply announces_refl]. Qed.

Lemma close_reference_announces k p : announces p (close_reference k p).
Proof.
  destruct k as [|[]| |]; cbn [close_reference].
  - by apply on_fifo_announces.
  - unfold close_fifo_read_only. eapply announces_trans; [|apply retire_cohort_announces].
    eapply announces_trans; [|apply close_read_end_announces]. by apply on_fifo_announces.
  - apply close_read_end_announces.
  - apply close_write_end_announces.
  - eapply announces_trans; [apply close_read_end_announces|apply close_write_end_announces].
Qed.

Lemma put_in_flight_announces p e : read_count e = read_count (ends (pipe p)) -> write_count e = write_count (ends (pipe p)) ->
  announces p (put_ends e p).
Proof.
  intros H1 H2. apply announces_refl; try done.
  - unfold quiet_read, read_end_has_eof, is_write_end_open. simpl. by rewrite H2.
  - unfold quiet_write. simpl. rewrite H1. by split_and!.
Qed.

Lemma add_reference_announces k p q res : add_reference k p = Some (q, res) -> announces p q.
Proof.
  destruct k as [|ro| |]; cbn [add_reference]; unfold op_bind, op_modify; intros E.
  - simplify_eq. by apply on_fifo_announces.
  - destruct (add_reader p) as [[p1 [[]|e]]|] eqn:E1; simplify_eq; [|eapply add_end_announces; [|done]; auto].
    eapply announces_trans; [eapply add_end_announces; [|done]; auto|].
    destruct ro; unfold op_ret in E; simplify_eq; [by apply on_fifo_announces|by apply announces_refl].
  - eapply add_end_announces; [|done]; auto.
  - destruct (add_reader p) as [[p1 [[]|e]]|] eqn:E1; simplify_eq; [|eapply add_end_announces; [|done]; auto].
    eapply announces_trans; eapply add_end_announces; try done; auto.
Qed.

Lemma retain_announces k p q res : retain_in_flight_reference k p = Some (q, res) -> announces p q.
Proof.
  unfold retain_in_flight_reference, op_bind, op_get, op_modify, op_panic. intros E.
  destruct (add_reference k p) as [[p1 [[]|e]]|] eqn:E1; simplify_eq; [|by eapply add_reference_announces].
  eapply announces_trans; [by eapply add_reference_announces|]. repeat case_match; simplify_eq; by apply put_in_flight_announces.
Qed.

Lemma release_in_flight_announces k p : announces p (release_in_flight_reference k p).
Proof.
  unfold release_in_flight_reference. eapply announces_trans; [|apply close_reference_announces]. by apply put_in_flight_announces.
Qed.

Lemma cancel_fifo_open_announces o p : announces p (fst (cancel_fifo_open o p)).
Proof.
  unfold cancel_fifo_open, remove_fifo_open_waiter.
  destruct (fifo_open_waiters (fifo (pipe p)) !! o) as [w|]; [|by apply announces_refl]. cbn [fst].
  eapply (announces_trans _ (on_fifo (fun f => set_waiters f (delete o (fifo_open_waiters f))) p)); [by apply on_fifo_announces|].
  destruct (side w); [|apply close_write_end_announces].
  eapply announces_trans; [apply close_read_end_announces|apply retire_cohort_announces].
Qed.

Lemma cancel_from_announces fuel pid o p : announces p (fst (cancel_from fuel pid o p)).
Proof.
  revert o p. induction fuel as [|fuel IH]; intros o p; [by apply announces_refl|].
  destruct o as [k|]; [|by apply announces_refl]. cbn [cancel_from].
  set (next := match List.find _ _ with Some _ => _ | None => _ end).
  pose proof (cancel_fifo_open_announces k p) as H1. destruct (cancel_fifo_open k p) as [p1 w]. cbn [fst] in H1.
  eapply announces_trans; [exact H1|]. pose proof (IH next p1) as H2. by destruct (cancel_from fuel pid next p1).
Qed.

(** The methods on bytes. *)
Lemma ring_only_fields p q : ring_only p q -> capacity (pipe q) = capacity (pipe p) /\ pipe_idx (pipe q) = pipe_idx (pipe p)
  /\ ends (pipe q) = ends (pipe p) /\ stream (pipe q) = stream (pipe p) /\ fifo (pipe q) = fifo (pipe p).
Proof. unfold ring_only. intros ->. done. Qed.

Lemma content_length b : pipe_ok b -> length (contents b) = len (ring b).
Proof.
  intros Hok. apply length_contents; [apply (pk_ring _ Hok)|]. destruct (pk_buffer _ Hok) as [|[? _]]; auto.
Qed.

Lemma consumed_announces k p q new : pipe_ok (pipe p) -> consumed k p q -> (k <= len (ring (pipe p)))%nat ->
  log q = log p ++ new ++ writable_wake k p -> announces p q.
Proof.
  intros Hok (Hq & Hr & Hc & _) Hk Hl. destruct (ring_only_fields _ _ Hr) as (R1 & R2 & R3 & R4 & _).
  pose proof (content_length _ Hok) as L1. pose proof (content_length _ Hq) as L2. rewrite Hc, length_drop, L1 in L2.
  split_and!; [done..|]. eexists. split; [exact Hl|]. rewrite !in_app_iff. split.
  - right. unfold quiet_read, read_end_has_eof, is_write_end_open. rewrite R3, R4. split_and!; auto. lia.
  - unfold writable_wake. destruct (Nat.eqb_spec k 0) as [->|]; [|left; right; by left].
    right. unfold quiet_write. rewrite R3, R4. split_and!; auto. lia.
Qed.

Lemma write_announces p data q res : pipe_ok (pipe p) -> write data p = Some (q, res) -> announces p q.
Proof.
  intros Hok E. destruct (write_spec p data Hok) as [[_ Ew]|(Hr & r & Hw & Ew)]; rewrite Ew in E; simplify_eq.
  { by apply announces_refl. }
  destruct Hw as (_ & _ & Hl & _). assert (quiet_write p (put_ring r p)) as Hq by (split_and!; simpl; try done; lia).
  destruct (Nat.eqb_spec (written (pipe p) data) 0) as [E0|E0].
  - by apply announces_refl.
  - apply announces_wake; try done. by apply logs_announces, logs_refl.
Qed.

(** ** Reachable pipes *)

(** One call of another component. An end of a FIFO is added only when its
    buffer is prepared, which is what the assertion of
    [write_without_wakeup] demands of the callers. *)
Inductive pipe_step : Pipe F D -> Pipe F D -> Prop :=
  | s_shutdown_read p : pipe_step p (shutdown_read p)
  | s_shutdown_write p : pipe_step p (shutdown_write p)
  | s_seal_writes p : pipe_step p (seal_writes p)
  | s_fail_reads e p : pipe_step p (fail_reads_after_buffered e p)
  | s_finish_writes p : pipe_step p (finish_writes p)
  | s_reset_stream e p : pipe_step p (reset_stream e p)
  | s_take_error p : pipe_step p (fst (take_stream_error p))
  | s_prepare_io g p : pipe_step p (on_pipe (fun b => fst (prepare_fifo_io g b)) p)
  | s_add_name p : pipe_step p (add_fifo_name p)
  | s_remove_name p : pipe_step p (remove_fifo_name p)
  | s_remove_name_at sec nsec p : pipe_step p (remove_fifo_name_at sec nsec p)
  | s_metadata st p : pipe_step p (update_fifo_metadata st p)
  | s_add k p q res : prepared (pipe p) -> add_reference k p = Some (q, res) -> pipe_step p q
  | s_close k p : pipe_step p (close_reference k p)
  | s_close_orderly p : pipe_step p (close_read_end_orderly p)
  | s_retain k p q res : prepared (pipe p) -> retain_in_flight_reference k p = Some (q, res) -> pipe_step p q
  | s_adopt k p : pipe_step p (adopt_in_flight_reference k p)
  | s_release k p : pipe_step p (release_in_flight_reference k p)
  | s_add_endpoint w p q res : prepared (pipe p) -> add_fifo_endpoint_ref w p = Some (q, res) -> pipe_step p q
  | s_reserve_open o w p q res : prepared (pipe p) -> publish_fifo_open_reservation o w p = Some (q, res) -> pipe_step p q
  | s_publish_open w p : pipe_step p (publish_fifo_open w p)
  | s_publish_rw p : pipe_step p (publish_fifo_read_write_open p)
  | s_release_waiters w p : pipe_step p (release_fifo_open_waiters w p)
  | s_take_ready o p : pipe_step p (fst (take_ready_fifo_open o p))
  | s_cancel o p : pipe_step p (fst (cancel_fifo_open o p))
  | s_cancel_process pid p : pipe_step p (fst (cancel_fifo_opens_for_process pid p))
  | s_write data p q res : write data p = Some (q, res) -> pipe_step p q
  | s_write_rights size mem data batch p q res : allocator_ok mem ->
      write_with_ancillary size mem data batch p = Some (q, res) -> pipe_step p q
  | s_recv_message clone n pk p q res : recv_message clone n pk p = Some (q, res) -> pipe_step p q
  | s_recv_plain n pk p q res : recv_plain n pk p = Some (q, res) -> pipe_step p q.

(** A pipe as created, with the index of its slot. *)
Definition fresh_pipe p : Prop :=
  log p = [] /\ exists cap i, Z.of_nat cap <= usize_max
    /\ ((exists b g, try_new g cap = Ok b /\ pipe p = mkPipe (capacity b) (reserved b) i (ring b) (ends b) (fifo b) (stream b))
        \/ exists st, let b := new_fifo cap st in
             pipe p = mkPipe (capacity b) (reserved b) i (ring b) (ends b) (fifo b) (stream b)).

Lemma fresh_pipe_ok p : fresh_pipe p -> pipe_ok (pipe p).
Proof.
  intros (_ & cap & i & Hc & H). assert (0 <= u32_max /\ 1 <= u32_max /\ 0 <= u64_max) as (U1 & U2 & U3) by done.
  destruct H as [(b & g & E & ->)|(st & ->)].
  - unfold try_new, prepare_buffer in E. destruct (checked_mul _ _ _); [|done]. destruct g; [|done]. simplify_eq/=.
    split; simpl; [|lia|lia|lia|left; apply length_replicate|by left].
    split; simpl; unfold modulus; simpl; try done; try lia; by rewrite Nat.Div0.mod_0_l.
  - simpl. split; simpl; [|lia|lia|done|by right|by right].
    split; simpl; unfold modulus; simpl; try done; try lia; by rewrite Nat.Div0.mod_0_l.
Qed.

Lemma write_ok p data q res : pipe_ok (pipe p) -> write data p = Some (q, res) -> pipe_ok (pipe q).
Proof.
  intros Hok E. destruct (write_spec p data Hok) as [[_ Ew]|(Hr & r & Hw & Ew)]; rewrite Ew in E; simplify_eq; [done|].
  pose proof (wrote_ok _ _ _ _ Hok Hr Hw). by case_match.
Qed.

Lemma add_reference_ok k p q res : pipe_ok (pipe p) -> prepared (pipe p) -> add_reference k p = Some (q, res) -> pipe_ok (pipe q).
Proof.
  intros Hok Hp. destruct k as [|ro| |]; cbn [add_reference]; unfold op_bind, op_modify; intros E.
  - simplify_eq. apply (pipe_ok_core (pipe p)); [reflexivity|exact Hok].
  - destruct (add_reader p) as [[p1 r1]|] eqn:E1; [|done].
    destruct (add_end_ok add_reader p p1 r1) as (H1 & _ & ->); auto.
    destruct ro; unfold op_ret in E; simplify_eq; [|done]. apply (pipe_ok_core (pipe p1)); [reflexivity|exact H1].
  - eapply (add_end_ok add_writer); eauto.
  - destruct (add_reader p) as [[p1 r1]|] eqn:E1; [|done].
    destruct (add_end_ok add_reader p p1 r1) as (H1 & H2 & ->); auto. eapply (add_end_ok add_writer); eauto.
Qed.

Lemma retain_ok k p q res : pipe_ok (pipe p) -> prepared (pipe p) -> retain_in_flight_reference k p = Some (q, res) ->
  pipe_ok (pipe q).
Proof.
  intros Hok Hp. unfold retain_in_flight_reference, op_bind, op_get, op_modify, op_panic. intros E.
  destruct (add_reference k p) as [[p1 r1]|] eqn:E1; [|done]. pose proof (add_reference_ok _ _ _ _ Hok Hp E1) as H1.
  destruct r1 as [[]|e]; [|by simplify_eq]. repeat case_match; simplify_eq;
    (apply (pipe_ok_core (pipe p1)); [reflexivity|exact H1]).
Qed.

Lemma release_in_flight_ok k p : pipe_ok (pipe p) -> pipe_ok (pipe (release_in_flight_reference k p)).
Proof.
  intros Hok. apply close_reference_ok. apply (pipe_ok_core (pipe p)); [reflexivity|exact Hok].
Qed.

Lemma prepare_fifo_io_fields g b : let b' := fst (prepare_fifo_io g b) in
  capacity b' = capacity b /\ pipe_idx b' = pipe_idx b /\ ends b' = ends b /\ stream b' = stream b
  /\ len (ring b') = len (ring b).
Proof. unfold prepare_fifo_io, prepare_buffer. by repeat case_match. Qed.

Lemma write_rights_keeps size mem data batch p q res : pipe_ok (pipe p) -> allocator_ok mem ->
  write_with_ancillary size mem data batch p = Some (q, res) -> pipe_ok (pipe q) /\ announces p q.
Proof.
  intros Hok Hm E. destruct (decide (batch = [])) as [->|Hb].
  { unfold write_with_ancillary in E. simpl in E. split; [by eapply write_ok|by eapply write_announces]. }
  destruct (write_with_ancillary_spec p size mem data batch Hok Hm Hb) as (q' & r' & E' & Hq & Hr & H).
  rewrite E' in E. simplify_eq. split; [done|]. destruct (ring_only_fields _ _ Hr) as (R1 & R2 & R3 & R4 & _).
  pose proof (content_length _ Hok) as L1. pose proof (content_length _ Hq) as L2.
  destruct H as [(_ & Hn & _ & Hl & Hc & _)|(_ & Hl & Hc & _)]; rewrite Hc in L2; (split_and!; [done..|]);
    eexists; (split; [exact Hl|]); (split; [|right; unfold quiet_write; rewrite R3, R4; split_and!; auto]).
  - left. by left.
  - rewrite length_app in L2. lia.
  - right. unfold quiet_read, read_end_has_eof, is_write_end_open. rewrite R3, R4. split_and!; auto. lia.
  - lia.
Qed.

Lemma recv_message_keeps clone n pk p q res : pipe_ok (pipe p) -> recv_message clone n pk p = Some (q, res) ->
  pipe_ok (pipe q) /\ announces p q.
Proof.
  intros Hok E. destruct (recv_message_spec clone n p Hok) as [E1 (q' & E2 & Hc & Hl)]. destruct pk.
  - rewrite E1 in E. repeat case_match; simplify_eq; (split; [done|by apply announces_refl]).
  - rewrite E2 in E. simplify_eq. split; [apply Hc|]. eapply (consumed_announces _ _ _ []); [done|done| |done].
    pose proof (segment_le n (pipe p)). lia.
Qed.

Lemma recv_plain_keeps n pk p q res : pipe_ok (pipe p) -> recv_plain n pk p = Some (q, res) ->
  pipe_ok (pipe q) /\ announces p q.
Proof.
  intros Hok E. destruct (recv_plain_spec n p Hok) as [E1 (q' & E2 & Hc & Hl)]. destruct pk.
  - rewrite E1 in E. simplify_eq. split; [done|by apply announces_refl].
  - rewrite E2 in E. simplify_eq. split; [apply Hc|]. eapply consumed_announces; [done|done| |exact Hl].
    pose proof (segment_le n (pipe p)). lia.
Qed.

(** Each call keeps the invariant and announces what it unblocks. *)
Lemma step_keeps p q : pipe_ok (pipe p) -> pipe_step p q -> pipe_ok (pipe q) /\ announces p q.
Proof.
  intros Hok Hs. destruct Hs as [p|p|p|e p|p|e p|p|g p|p|p|sec nsec p|st p|k p q res Hp E|k p|p|k p q res Hp E|k p|k p
    |w p q res Hp E|o w p q res Hp E|w p|p|w p|o p|o p|pid p|data p q res E|size mem data batch p q res Hm E
    |clone n pk p q res E|n pk p q res E];
    try (destruct (stream_methods_announce ENOENT p) as (A1 & A2 & A3 & A4 & A5 & A6 & A7));
    try (destruct (stream_methods_announce e p) as (_ & _ & _ & B4 & _ & B6 & _)).
  1: split; [by apply shutdown_read_ok|done].
  1: split; [unfold shutdown_write; destruct (socket_write_shutdown (stream (pipe p))); [done|]; apply (pipe_ok_core (pipe p)); [reflexivity|exact Hok]|done].
  1-3: split; [apply (pipe_ok_core (pipe p)); [reflexivity|exact Hok]|done].
  1: split; [by apply reset_stream_ok|done].
  1: split; [apply (pipe_ok_core (pipe p)); [reflexivity|exact Hok]|done].
  1: { split; [by apply prepare_fifo_io_ok|]. destruct (prepare_fifo_io_fields g (pipe p)) as (R1 & R2 & R3 & R4 & R5).
       apply announces_refl; unfold quiet_read, quiet_write, read_end_has_eof, is_write_end_open; simpl; try done;
         rewrite R3, R4, R5; by split_and!. }
  1-4: split; [apply (pipe_ok_core (pipe p)); [reflexivity|exact Hok]|]; try (by apply on_fifo_announces).
  1: { eapply announces_trans; by apply on_fifo_announces. }
  1: split; [by eapply add_reference_ok|by eapply add_reference_announces].
  1: split; [by apply close_reference_ok|apply close_reference_announces].
  1: split; [by apply close_read_end_orderly_ok|apply close_read_end_orderly_announces].
  1: split; [by eapply retain_ok|by eapply retain_announces].
  1: split; [apply (pipe_ok_core (pipe p)); [reflexivity|exact Hok]|by apply put_in_flight_announces].
  1: split; [by apply release_in_flight_ok|apply release_in_flight_announces].
  1: { destruct w; (split; [eapply add_end_ok; [|exact Hok|exact Hp|exact E]; auto|eapply add_end_announces; [|exact E]; auto]). }
  1: { unfold publish_fifo_open_reservation, op_get, op_bind, op_panic, op_modify in E. case_match; [done|].
       set (p1 := on_fifo _ p) in E. assert (pipe_ok (pipe p1)) as H1 by (apply (pipe_ok_core (pipe p)); [reflexivity|exact Hok]).
       assert (announces p p1) as A by (by apply on_fifo_announces).
       destruct (side w); (split; [eapply add_end_ok; [|exact H1|exact Hp|exact E]; auto
         |eapply announces_trans; [exact A|eapply add_end_announces; [|exact E]; auto]]). }
  1: { destruct w; (split; [apply (pipe_ok_core (pipe p)); [reflexivity|exact Hok]|by apply announces_refl]). }
  1: split; [apply (pipe_ok_core (pipe p)); [reflexivity|exact Hok]|by apply on_fifo_announces].
  1: { unfold release_fifo_open_waiters. case_match; (split; [apply (pipe_ok_core (pipe p)); [reflexivity|exact Hok]|]);
       [eapply announces_trans; [|apply announces_emit]|]; by apply on_fifo_announces. }
  1: { unfold take_ready_fifo_open. repeat case_match; (split; [apply (pipe_ok_core (pipe p)); [reflexivity|exact Hok]|]);
       first [by apply announces_refl | by apply on_fifo_announces]. }
  1: split; [by apply cancel_fifo_open_ok|apply cancel_fifo_open_announces].
  1: split; [by apply cancel_from_ok|apply cancel_from_announces].
  1: split; [by eapply write_ok|by eapply write_announces].
  1: by eapply write_rights_keeps.
  1: by eapply recv_message_keeps.
  1: by eapply recv_plain_keeps.
Qed.

Lemma reachable_pipe_ok p0 p : fresh_pipe p0 -> rtc pipe_step p0 p -> pipe_ok (pipe p).
Proof.
  intros H0%fresh_pipe_ok Hs. induction Hs as [|p0 p1 p Hs _ IH]; [done|]. apply IH. by eapply step_keeps.
Qed.

(** Whether a blocked call may go on. *)
Definition read_blocks (n : nat) b : Prop :=
  (n = 0%nat \/ len (ring b) = 0%nat) /\ read_error b = None /\ read_end_has_eof b = false.
Definition write_blocks (data : list Z) b : Prop :=
  write_sealed (stream b) = false /\ is_read_end_open b = true
  /\ (lenZ data <= PIPE_BUF /\ (free_space b < length data)%nat \/ (free_space b = 0)%nat /\ 0 < read_count (ends b)).

Lemma segment_zero n b : ring_ok b -> segment n b = 0%nat -> n = 0%nat \/ len (ring b) = 0%nat.
Proof.
  intros Hr. unfold segment. destruct (marks b) as [|[[s e] f] l] eqn:Em; [lia|].
  destruct (first_mark _ _ _ _ _ Hr Em) as (H1 & H2 & _). destruct (s <? _); lia.
Qed.

Lemma read_spec n p : pipe_ok (pipe p) -> let k := segment n (pipe p) in
  exists q, read n p = Some (q, Ok (take k (contents (pipe p)))) /\ consumed k p q.
Proof.
  intros Hok k. destruct (recv_plain_spec n p Hok) as [_ (q & E & Hc & _)]. exists q. split; [|done].
  unfold read. by rewrite (bind_ok _ _ _ _ _ E).
Qed.

Lemma length_taken n p : pipe_ok (pipe p) -> length (take (segment n (pipe p)) (contents (pipe p))) = segment n (pipe p).
Proof.
  intros Hok. rewrite length_take, content_length by done. pose proof (segment_le n (pipe p)). lia.
Qed.

Lemma sys_read_spec n p : pipe_ok (pipe p) ->
  exists q res, sys_read_pipe n p = Some (q, res) /\ pipe_ok (pipe q)
    /\ (res = Err EAGAIN <-> read_blocks n (pipe p) \/ segment n (pipe p) = 0%nat /\ read_error (pipe p) = Some EAGAIN).
Proof.
  intros Hok. destruct (read_spec n p Hok) as (q & E & Hq & Hr & _). unfold sys_read_pipe.
  rewrite (bind_ok _ _ _ _ _ E), length_taken by done. destruct (ring_only_fields _ _ Hr) as (_ & _ & R3 & R4 & _).
  assert (read_error (pipe q) = read_error (pipe p)) as Re by (unfold read_error; by rewrite R4).
  assert (read_end_has_eof (pipe q) = read_end_has_eof (pipe p)) as Ro
    by (unfold read_end_has_eof, is_write_end_open; by rewrite R3, R4).
  unfold read_blocks. destruct (Nat.ltb_spec 0 (segment n (pipe p))) as [H|H].
  - eexists _, _. split; [done|]. split; [done|]. split; [done|]. 
    pose proof (segment_le n (pipe p)) as Hs. intros [([Hn|Hl] & _)|[? _]]; lia.
  - unfold op_get. cbn [op_bind]. rewrite Re, Ro. assert (segment n (pipe p) = 0%nat) as H0 by lia.
    pose proof (segment_zero _ _ (pk_ring _ Hok) H0) as Hz.
    destruct (read_error (pipe p)) as [e|]; [|destruct (read_end_has_eof (pipe p))];
      eexists _, _; (split; [done|]); (split; [done|]); split; try done; try naive_solver.
Qed.

Lemma sys_write_spec data p : pipe_ok (pipe p) -> data <> [] -> let b := pipe p in
  exists q res, sys_write_pipe data p = Some (q, res) /\ pipe_ok (pipe q) /\ marks (pipe q) = marks b
    /\ (res = Err EAGAIN <-> write_blocks data b)
    /\ match res with
       | Err e => contents (pipe q) = contents b /\ (e = EAGAIN /\ q = p \/ e = EPERM /\ q = p \/ e = EPIPE /\ q = emit Sigpipe p)
       | Ok n => (0 < n <= length data)%nat /\ (lenZ data <= PIPE_BUF -> n = length data)
                 /\ contents (pipe q) = contents b ++ (if read_count (ends b) =? 0 then [] else take n data)
       end
    /\ (res = Err EPERM <-> write_sealed (stream b) = true)
    /\ (res = Err EPIPE <-> write_sealed (stream b) = false /\ is_read_end_open b = false).
Proof.
  intros Hok Hd b. assert (0 < length data)%nat as Hd' by (destruct data; simpl in *; [done|lia]).
  unfold sys_write_pipe, op_get. cbn [op_bind]. fold b. unfold write_blocks.
  destruct (write_sealed (stream b)) eqn:Es.
  { exists p, (Err EPERM). split; [done|]. split; [done|]. split; [done|]. intuition congruence. }
  destruct (is_read_end_open b) eqn:Eo; cbn [negb].
  2: { exists (emit Sigpipe p), (Err EPIPE). split; [done|]. split; [done|]. split; [done|]. intuition congruence. }
  destruct ((lenZ data <=? PIPE_BUF) && (free_space b <? length data)%nat) eqn:Ef.
  { apply andb_true_iff in Ef as [E1%Z.leb_le E2%Nat.ltb_lt].
    exists p, (Err EAGAIN). split; [done|]. split; [done|]. split; [done|]. intuition congruence. }
  assert (lenZ data <= PIPE_BUF -> (length data <= free_space b)%nat) as Hf.
  { intros H. apply andb_false_iff in Ef as [E%Z.leb_gt|E%Nat.ltb_ge]; [lia|done]. }
  destruct (write_spec p data Hok) as [[Er Ew]|(Hr & r & Hw & Ew)]; rewrite (bind_ok _ _ _ _ _ Ew); fold b.
  - assert (orphaned_read (ends b) = true) as Ho.
    { unfold is_read_end_open in Eo. fold b in Er. rewrite Er in Eo. by destruct (socket_read_shutdown (stream b)). }
    fold b in Er. rewrite Ho, Er. rewrite (proj2 (Nat.ltb_lt 0 (length data))) by done. simpl.
    exists p, (Ok (length data)). rewrite app_nil_r. split; [done|]. split; [done|]. split; [done|].
    split; [split; [done|]; intros (_ & _ & [[? ?]|[_ ?]]); lia|]. intuition (congruence || lia).
  - fold b in Hr. rewrite (proj2 (Z.eqb_neq (read_count (ends b)) 0)) by lia.
    assert (written b data = Nat.min (length data) (free_space b)) as Hn by done.
    destruct (Nat.eqb_spec (written b data) 0) as [E0|E0].
    + rewrite E0. simpl. exists p, (Err EAGAIN). split; [done|]. split; [done|]. split; [done|].
      split; [split; [intros _|done]; split_and!; try done; right; lia|]. intuition congruence.
    + rewrite (proj2 (Nat.ltb_lt 0 _)) by lia.
      pose proof (wrote_ok _ _ _ _ Hok Hr Hw) as Hq. destruct Hw as (_ & _ & _ & Hc & Hm & _).
      eexists _, (Ok (written b data)). split; [reflexivity|]. split; [exact Hq|]. split; [exact Hm|].
      split; [split; [done|]; intros (_ & _ & [[? ?]|[? _]]); lia|]. split; [|intuition congruence].
      split; [lia|]. split; [lia|]. exact Hc.
Qed.

(** ** Cancelling the opens of a process *)

Definition waiters p : gmap Z (FifoOpenWaiter D) := fifo_open_waiters (fifo (pipe p)).

Lemma close_read_end_waiters p : waiters (close_read_end p) = waiters p.
Proof.
  unfold close_read_end, waiters. cbn [pipe push_wake emit on_pipe].
  match goal with |- context [release_fifo_buffer_if_idle ?b] => destruct (release_idle_fields b) as (_ & _ & _ & _ & E & _) end.
  etransitivity; [apply f_equal, E|]. repeat case_match; done.
Qed.

Lemma close_write_end_waiters p : waiters (close_write_end p) = waiters p.
Proof.
  unfold close_write_end, waiters. cbn [pipe push_wake emit on_pipe].
  match goal with |- context [release_fifo_buffer_if_idle ?b] => destruct (release_idle_fields b) as (_ & _ & _ & _ & E & _) end.
  etransitivity; [apply f_equal, E|]. repeat case_match; done.
Qed.

Lemma retire_cohort_waiters p : waiters (retire_cohort p) = waiters p.
Proof. unfold retire_cohort. by case_match. Qed.

Lemma cancel_waiters o p : waiters (fst (cancel_fifo_open o p)) = delete o (waiters p)
  /\ snd (cancel_fifo_open o p) = waiters p !! o.
Proof.
  unfold cancel_fifo_open, remove_fifo_open_waiter. fold (waiters p). destruct (waiters p !! o) as [w|] eqn:E; cbn [fst snd].
  - split; [|done]. destruct (side w).
    + by rewrite retire_cohort_waiters, close_read_end_waiters.
    + by rewrite close_write_end_waiters.
  - by rewrite delete_id.
Qed.

Lemma owners_unique p l : StronglySorted Z.lt l -> Permutation l (map fst (map_to_list (waiters p))) -> owners (pipe p) = l.
Proof.
  intros Hs Hp. unfold owners. fold (waiters p). apply (Sorted_unique Z.le).
  - apply Sorted_merge_sort. intros x y. lia.
  - apply StronglySorted_Sorted. clear Hp. induction Hs as [|x l Hs IH Hf]; constructor; [done|].
    eapply Forall_impl; [exact Hf|]. simpl. lia.
  - etransitivity; [apply merge_sort_Permutation|]. by symmetry.
Qed.

Lemma owners_spec p : StronglySorted Z.lt (owners (pipe p)) /\ Permutation (owners (pipe p)) (map fst (map_to_list (waiters p))).
Proof.
  assert (Permutation (owners (pipe p)) (map fst (map_to_list (waiters p)))) as Hp by apply merge_sort_Permutation.
  split; [|done]. assert (NoDup (owners (pipe p))) as Hn by (rewrite Hp; apply NoDup_fst_map_to_list).
  assert (StronglySorted Z.le (owners (pipe p))) as Hs.
  { apply Sorted_StronglySorted; [intros ???; lia|]. apply Sorted_merge_sort. intros x y. lia. }
  clear Hp. induction Hs as [|x l Hs IH Hf]; constructor; inversion Hn; simplify_eq; [by apply IH|].
  rewrite Forall_forall in *. intros y Hy. specialize (Hf y Hy). assert (x <> y) by (intros ->; done). lia.
Qed.

Lemma owners_lookup p o : o ∈ owners (pipe p) <-> is_Some (waiters p !! o).
Proof.
  destruct (owners_spec p) as [_ ->]. split.
  - intros ([k w] & -> & Hin%elem_of_map_to_list)%list_elem_of_fmap. eauto.
  - intros [w Hw]. apply list_elem_of_fmap. exists (o, w). split; [done|]. by apply elem_of_map_to_list.
Qed.

Lemma owners_cancel p o l1 l2 : owners (pipe p) = l1 ++ o :: l2 ->
  owners (pipe (fst (cancel_fifo_open o p))) = l1 ++ l2.
Proof.
  intros E. destruct (owners_spec p) as [Hs Hp]. rewrite E in Hs, Hp. apply owners_unique.
  - clear Hp E. induction l1 as [|x l1 IH]; simpl in *; inversion Hs as [|? ? Hs' Hf]; simplify_eq; [done|].
    constructor; [auto|]. rewrite Forall_app in *. destruct Hf as [? Hf]. inversion Hf. auto.
  - destruct (cancel_waiters o p) as [-> _].
    assert (is_Some (waiters p !! o)) as [w Hw] by (apply owners_lookup; rewrite E; set_solver).
    rewrite <- (insert_delete_id (waiters p) o w) in Hp by done.
    rewrite map_to_list_insert in Hp by apply lookup_delete_eq. simpl in Hp.
    rewrite <- Permutation_middle in Hp. by apply Permutation_cons_inv in Hp.
Qed.

Lemma find_after (l1 l2 : list Z) o : StronglySorted Z.lt (l1 ++ o :: l2) ->
  List.find (fun k => o <? k) (l1 ++ o :: l2) = hd_error l2.
Proof.
  induction l1 as [|x l1 IH]; simpl; intros Hs; inversion Hs as [|? ? Hs' Hf]; simplify_eq.
  - rewrite Z.ltb_irrefl. destruct l2 as [|y l2]; [done|]. simpl. inversion Hf; simplify_eq.
    by rewrite (proj2 (Z.ltb_lt o y)).
  - rewrite Forall_app in Hf. destruct Hf as [_ Hf]. inversion Hf; simplify_eq.
    rewrite (proj2 (Z.ltb_ge o x)) by lia. auto.
Qed.

(** The loop cancels a block of owners in order. *)
Lemma cancel_from_block pid l1 l2 l3 fuel p : owners (pipe p) = l1 ++ l2 ++ l3 ->
  Forall (fun k => owner_pid k = pid) l2 -> match l3 with k :: _ => owner_pid k <> pid | [] => True end ->
  (length l2 <= fuel)%nat ->
  let '(q, ws) := cancel_from fuel pid (hd_error l2) p in
  waiters q = foldr delete (waiters p) l2 /\ Forall2 (fun k w => waiters p !! k = Some w) l2 ws.
Proof.
  revert fuel p. induction l2 as [|o l2 IH]; intros fuel p Ho H2 H3 Hf.
  { destruct fuel; done. }
  destruct fuel as [|fuel]; simpl in Hf; [lia|]. cbn [cancel_from hd_error].
  apply Forall_cons in H2 as [<- H2']. destruct (owners_spec p) as [Hs _].
  rewrite Ho in Hs |- *. cbn [app] in Hs |- *. rewrite find_after by done.
  pose proof (owners_cancel p o l1 (l2 ++ l3) Ho) as Ho'. destruct (cancel_waiters o p) as [Hw1 Hw2].
  destruct (cancel_fifo_open o p) as [p1 w]. cbn [fst snd] in Ho', Hw1, Hw2.
  assert ((match hd_error (l2 ++ l3) with Some k => if owner_pid k =? owner_pid o then Some k else None | None => None end)
    = hd_error l2) as ->.
  { destruct l2 as [|k l2]; cbn [app hd_error].
    - destruct l3 as [|k l3]; [done|]. cbn [hd_error]. by rewrite (proj2 (Z.eqb_neq _ _)).
    - apply Forall_cons in H2' as [Hk _]. by rewrite (proj2 (Z.eqb_eq _ _)). }
  assert (NoDup (o :: l2)) as Hnd.
  { assert (NoDup (l1 ++ (o :: l2) ++ l3)) as Hnd.
    { rewrite <- Ho. destruct (owners_spec p) as [_ ->]. apply NoDup_fst_map_to_list. }
    apply NoDup_app in Hnd as (_ & _ & Hnd). by apply NoDup_app in Hnd as (Hnd & _ & _). }
  inversion Hnd as [|? ? Hni Hnd']; simplify_eq.
  specialize (IH fuel p1 Ho' H2' H3 ltac:(lia)). destruct (cancel_from fuel (owner_pid o) (hd_error l2) p1) as [q ws].
  destruct IH as [-> IH2]. rewrite Hw1. split.
  - clear -Hni. induction l2 as [|x l2 IH]; [done|]. simpl. rewrite IH by set_solver. apply delete_delete.
  - destruct (waiters p !! o) as [w|] eqn:Hw; [|destruct (proj1 (owners_lookup p o)); [rewrite Ho; set_solver|congruence]].
    constructor; [done|]. rewrite Hw1 in IH2. clear -IH2 Hni. induction IH2 as [|k w' ks ws Hk _ IH]; constructor.
    + by rewrite lookup_delete_ne in Hk by set_solver.
    + apply IH. set_solver.
Qed.

Lemma sorted_blocks (f : Z -> Z) pid l : StronglySorted Z.lt l -> (forall x y, In x l -> In y l -> x <= y -> f x <= f y) ->
  l = List.filter (fun k => f k <? pid) l ++ List.filter (fun k => f k =? pid) l ++ List.filter (fun k => pid <? f k) l.
Proof.
  intros Hs. induction Hs as [|x l Hs IH Hf]; intros Hm; [done|]. rewrite Forall_forall in Hf.
  assert (forall y, In y l -> f x <= f y) as Hx.
  { intros y Hy. apply Hm; [by left|by right|]. specialize (Hf y). rewrite list_elem_of_In in Hf. specialize (Hf Hy). lia. }
  specialize (IH ltac:(intros; apply Hm; simpl; auto)).
  assert (forall g, (forall y, In y l -> g (f y) = false) -> List.filter (fun k => g (f k)) l = []) as Hnil.
  { intros g Hg. clear -Hg. induction l as [|y l IH]; [done|]. simpl. rewrite Hg by (by left). apply IH. auto with datatypes. }
  cbn [List.filter]. destruct (Z.ltb_spec (f x) pid), (Z.eqb_spec (f x) pid), (Z.ltb_spec pid (f x)); try lia.
  - cbn [app]. by rewrite <- IH.
  - rewrite (Hnil (fun z => z <? pid)) in IH |- *; [|intros y Hy; apply Z.ltb_ge; specialize (Hx y Hy); lia..].
    cbn [app] in IH |- *. by rewrite <- IH.
  - rewrite (Hnil (fun z => z <? pid)) in IH |- *; [|intros y Hy; apply Z.ltb_ge; specialize (Hx y Hy); lia..].
    rewrite (Hnil (fun z => z =? pid)) in IH |- *; [|intros y Hy; apply Z.eqb_neq; specialize (Hx y Hy); lia..].
    cbn [app] in IH |- *. by rewrite <- IH.
Qed.

Lemma find_filter (g : Z -> bool) l : List.find g l = hd_error (List.filter g l).
Proof. induction l as [|x l IH]; [done|]. simpl. by destruct (g x). Qed.

Lemma owner_pid_spec k : 0 <= k < 2 ^ 64 -> owner_pid k = k / 2 ^ 32.
Proof.
  intros Hk. unfold owner_pid, as_u32. rewrite Z.shiftr_div_pow2 by lia. apply Z.mod_small.
  split; [apply Z.div_pos; lia|]. apply Z.div_lt_upper_bound; lia.
Qed.

Lemma foldr_delete_lookup {A} (m : gmap Z A) l k : foldr delete m l !! k = if decide (k ∈ l) then None else m !! k.
Proof.
  induction l as [|x l IH]; [done|]. simpl. destruct (decide (x = k)) as [->|Hx].
  - rewrite lookup_delete_eq. by rewrite decide_True by set_solver.
  - rewrite lookup_delete_ne by done. rewrite IH. apply decide_ext. set_solver.
Qed.

(** A run of writes ([inl]) and reads ([inr]): the bytes accepted and the
    bytes delivered. *)
Fixpoint transfer (calls : list (list Z + nat)) p : option (Pipe F D * list Z * list Z) :=
  match calls with
  | [] => Some (p, [], [])
  | inl data :: rest =>
      match write data p with
      | Some (q, Ok n) => match transfer rest q with
                          | Some (z, w, r) => Some (z, take n data ++ w, r)
                          | None => None
                          end
      | _ => None
      end
  | inr n :: rest =>
      match read n p with
      | Some (q, Ok out) => match transfer rest q with
                            | Some (z, w, r) => Some (z, w, out ++ r)
                            | None => None
                            end
      | _ => None
      end
  end.

Lemma transfer_spec calls p : pipe_ok (pipe p) -> 0 < read_count (ends (pipe p)) ->
  exists q w r, transfer calls p = Some (q, w, r) /\ contents (pipe p) ++ w = r ++ contents (pipe q)
    /\ (length (contents (pipe q)) <= capacity (pipe p))%nat.
Proof.
  revert p. induction calls as [|[data|n] calls IH]; intros p Hok Hr.
  - exists p, [], []. split; [done|]. rewrite app_nil_r, content_length by done. split; [done|]. apply (pk_ring _ Hok).
  - cbn [transfer]. destruct (write_spec p data Hok) as [[E0 _]|(_ & r & Hw & ->)]; [lia|].
    pose proof (wrote_ok _ _ _ _ Hok Hr Hw) as Hq. destruct Hw as (_ & _ & _ & Hc & _).
    set (q := if (written (pipe p) data =? 0)%nat then p else push_wake Readable (put_ring r p)).
    assert (pipe_ok (pipe q) /\ ends (pipe q) = ends (pipe p) /\ capacity (pipe q) = capacity (pipe p)
      /\ contents (pipe q) = contents (pipe p) ++ take (written (pipe p) data) data) as (H1 & H2 & H3 & H4).
    { unfold q. destruct (Nat.eqb_spec (written (pipe p) data) 0) as [E|_]; [|by split_and!].
      rewrite E, take_0, app_nil_r. done. }
    destruct (IH q H1) as (z & w & r' & -> & Hwr & Hl); [by rewrite H2|].
    eexists z, _, r'. split; [done|]. rewrite <- H3. split; [|done]. by rewrite app_assoc, <- H4.
  - cbn [transfer]. destruct (read_spec n p Hok) as (q & -> & H1 & H2 & H3 & _).
    destruct (ring_only_fields _ _ H2) as (R1 & _ & R3 & _).
    destruct (IH q H1) as (z & w & r & -> & Hwr & Hl); [by rewrite R3|].
    eexists z, w, _. split; [done|]. rewrite <- R1. split; [|done].
    rewrite <- app_assoc, <- Hwr, H3, app_assoc, take_drop. done.
Qed.

Lemma read_blocks_quiet n p q : quiet_read p q -> read_blocks n (pipe p) -> read_blocks n (pipe q).
Proof.
  intros (H1 & H2 & H3) (B1 & B2 & B3). unfold read_blocks, read_error in *. rewrite H2. split_and!; [naive_solver|done|].
  destruct (read_end_has_eof (pipe q)); [|done]. rewrite H3 in B3 by done. done.
Qed.

Lemma write_blocks_quiet data p q : pipe_ok (pipe p) -> pipe_ok (pipe q) -> capacity (pipe q) = capacity (pipe p) ->
  PIPE_BUF <= Z.of_nat (capacity (pipe p)) -> quiet_write p q -> write_blocks data (pipe p) -> write_blocks data (pipe q).
Proof.
  intros Hok Hq Hc Hp (H1 & H2 & H3 & H4) (B1 & B2 & B3).
  assert (0 < read_count (ends (pipe p))) as Hr.
  { destruct (pk_reads _ Hok) as [Hr _]. destruct (Z.eq_dec (read_count (ends (pipe p))) 0) as [E|]; [|lia].
    destruct (pk_closed _ Hok E) as [Hl _]. unfold free_space in B3. lia. }
  unfold write_blocks, is_read_end_open, free_space in *. rewrite H3, H4, Hc.
  rewrite (proj2 (Z.ltb_lt 0 _) (H2 Hr)). apply andb_true_iff in B2 as [B2 _]. rewrite B2.
  pose proof (rk_len _ (pk_ring _ Hq)). split_and!; [done|done|]. destruct B3 as [[? ?]|[? ?]]; [left|right]; lia.
Qed.
End Wakeups.

(** What cancelling the opens of a process does to the waiters. *)
Lemma cancel_process_spec {F D} (p : Pipe F D) pid :
  (forall k w, waiters p !! k = Some w -> 0 <= k < 2 ^ 64) ->
  let ks := List.filter (fun k => owner_pid k =? pid) (owners (pipe p)) in
  exists q ws, cancel_fifo_opens_for_process pid p = (q, ws)
    /\ Forall2 (fun k w => waiters p !! k = Some w) ks ws
    /\ forall k, waiters q !! k = if owner_pid k =? pid then None else waiters p !! k.
Proof.
  intros Hk ks. unfold cancel_fifo_opens_for_process. fold (waiters p). rewrite find_filter. fold ks.
  destruct (owners_spec p) as [Hs Hp].
  assert (owners (pipe p) = List.filter (fun k => owner_pid k <? pid) (owners (pipe p)) ++ ks
    ++ List.filter (fun k => pid <? owner_pid k) (owners (pipe p))) as Hb.
  { apply sorted_blocks; [done|]. intros x y Hx Hy Hxy. rewrite <- list_elem_of_In in Hx, Hy.
    apply owners_lookup in Hx as [? Hx%Hk], Hy as [? Hy%Hk]. rewrite !owner_pid_spec by done.
    apply Z.div_le_mono; lia. }
  assert (Forall (fun k => owner_pid k = pid) ks) as H2.
  { apply Forall_forall. intros k [_ Hin]%list_elem_of_In%List.filter_In. by apply Z.eqb_eq. }
  pose proof (cancel_from_block pid _ ks _ (size (waiters p)) p Hb H2) as H.
  destruct (cancel_from _ _ _ _) as [q ws]. exists q, ws. split; [done|].
  destruct H as [Hq Hw].
  - destruct (List.filter (fun k => pid <? owner_pid k) (owners (pipe p))) as [|k l] eqn:E; [done|].
    assert (In k (k :: l)) as Hin by (by left). rewrite <- E in Hin. apply List.filter_In in Hin as [_ Hin%Z.ltb_lt]. lia.
  - rewrite <- length_map_to_list. rewrite <- (length_map fst), <- Hp.
    unfold ks. apply List.filter_length_le.
  - split; [done|]. intros k. rewrite Hq, foldr_delete_lookup. case_decide as Hd.
    + apply list_elem_of_In, List.filter_In in Hd as [_ ->]. done.
    + destruct (Z.eqb_spec (owner_pid k) pid) as [E|]; [|done]. destruct (waiters p !! k) as [w|] eqn:Ew; [|done].
      exfalso. apply Hd. apply list_elem_of_In, List.filter_In. split; [|by apply Z.eqb_eq].
      apply list_elem_of_In, owners_lookup. eauto.
Qed.

(** ** Properties *)

(** C29. A byte stream. Whatever reads and writes a reachable pipe with a reader
    serves, it never panics, and the bytes delivered followed by the bytes
    still buffered are the bytes that were buffered followed by the bytes
    accepted: nothing is lost, repeated or reordered, and never more than the
    capacity is held. *)
Theorem pipe_stream_fifo {F D} (p0 p : Pipe F D) calls : fresh_pipe p0 -> rtc pipe_step p0 p ->
  0 < read_count (ends (pipe p)) ->
  exists q accepted delivered, transfer calls p = Some (q, accepted, delivered)
    /\ contents (pipe p) ++ accepted = delivered ++ contents (pipe q)
    /\ (length (contents (pipe q)) <= capacity (pipe p))%nat.
Proof. intros H0 Hs Hr. apply transfer_spec; [by eapply reachable_pipe_ok|done]. Qed.

(** C30. Descriptors travel with their bytes. A message sent with descriptors
    attaches them to exactly the bytes accepted. A receive delivers a prefix of
    the stream; it hands over the first queued batch exactly when it delivers
    that batch's first byte, then stops at the batch's last byte, and leaves
    every later batch attached to its own bytes. *)
Theorem pipe_rights_with_bytes {F D} (p0 p : Pipe F D) : fresh_pipe p0 -> rtc pipe_step p0 p ->
  (forall size mem data batch, allocator_ok mem -> batch <> [] ->
     exists q res, write_with_ancillary size mem data batch p = Some (q, res)
       /\ match res with
          | Ok (S _ as n) => 0 < read_count (ends (pipe p)) ->
              contents (pipe q) = contents (pipe p) ++ take n data
              /\ marks (pipe q) = marks (pipe p) ++ [(lenZ (contents (pipe p)), lenZ (contents (pipe p)) + Z.of_nat n, batch)]
          | _ => contents (pipe q) = contents (pipe p) /\ marks (pipe q) = marks (pipe p)
          end)
  /\ forall clone n, exists q out, recv_message clone n false p = Some (q, Ok out)
     /\ let k := length (data_read out) in
        contents (pipe p) = data_read out ++ contents (pipe q) /\ (k <= n)%nat
        /\ (k = 0%nat -> n = 0%nat \/ contents (pipe p) = [])
        /\ match marks (pipe p) with
           | [] => received_fds out = None /\ marks (pipe q) = []
           | (first, past, batch) :: rest =>
               if first <? Z.of_nat k
               then received_fds out = Some batch /\ Z.of_nat k <= past /\ marks (pipe q) = map (shift k) rest
               else received_fds out = None /\ marks (pipe q) = map (shift k) (marks (pipe p))
           end.
Proof.
  intros H0 Hs. pose proof (reachable_pipe_ok _ _ H0 Hs) as Hok. split.
  - intros size mem data batch Hm Hb.
    destruct (write_with_ancillary_spec p size mem data batch Hok Hm Hb) as (q & res & E & _ & _ & H). exists q, res.
    split; [done|]. destruct H as [(-> & Hn & _ & _ & Hc & Hk)|([-> |[-> |[? ->]]] & _ & Hc & Hk)]; try done.
    + destruct (written (pipe p) data) as [|n] eqn:En; [lia|]. intros _. split; [done|].
      rewrite Hk, content_length by done. do 4 f_equal. lia.
    + destruct (length data); [done|]. intros. lia.
  - intros clone n. destruct (recv_message_spec clone n p Hok) as [_ (q & E & (Hq & Hr & Hc & Hm) & _)].
    eexists q, _. split; [exact E|]. cbn [data_read received_fds]. rewrite length_taken by done.
    set (k := segment n (pipe p)) in *. pose proof (segment_le n (pipe p)) as Hle. fold k in Hle.
    rewrite Hc, take_drop. split; [done|]. split; [lia|]. split.
    { intros Hk. destruct (segment_zero n (pipe p) (pk_ring _ Hok) Hk) as [|Hl]; [by left|right].
      apply nil_length_inv. rewrite content_length by done. done. }
    rewrite Hm. unfold remaining, taken, enters. destruct (marks (pipe p)) as [|[[s e] f] l] eqn:Em; [done|].
    destruct (Z.ltb_spec s (Z.of_nat k)) as [Hlt|Hge]; [|done]. split_and!; try done.
    unfold k, segment in *. rewrite Em in *. destruct (first_mark _ _ _ _ _ (pk_ring _ Hok) Em) as (? & ? & _).
    destruct (Z.ltb_spec s (Z.of_nat (n `min` len (ring (pipe p))))); lia.
Qed.

(** C36. No lost wakeups. When one call of any component turns a read (or a
    write) that would block into one that would not, that call logs the wakeup
    that makes the parked readers (writers) try again. *)
Theorem blocked_pipe_calls_are_woken {F D} (p0 p q : Pipe F D) : fresh_pipe p0 -> rtc pipe_step p0 p -> pipe_step p q ->
  (forall n x, sys_read_pipe n p = Some (x, Err EAGAIN) -> (forall y, sys_read_pipe n q <> Some (y, Err EAGAIN)) ->
     exists new, log q = log p ++ new /\ In (Wake (pipe_idx (pipe p)) Readable) new)
  /\ (forall data x, data <> [] -> PIPE_BUF <= Z.of_nat (capacity (pipe p)) ->
     sys_write_pipe data p = Some (x, Err EAGAIN) -> (forall y, sys_write_pipe data q <> Some (y, Err EAGAIN)) ->
     exists new, log q = log p ++ new /\ In (Wake (pipe_idx (pipe p)) Writable) new).
Proof.
  intros H0 Hs Hstep. pose proof (reachable_pipe_ok _ _ H0 Hs) as Hok.
  destruct (step_keeps _ _ Hok Hstep) as (Hq & _ & Hc & new & Hl & Hr & Hw). split.
  - intros n x Ex Ey. exists new. split; [done|]. destruct Hr as [|Hr]; [done|]. exfalso.
    destruct (sys_read_spec n p Hok) as (p' & r & E1 & _ & Hb). destruct (sys_read_spec n q Hq) as (q' & r' & E2 & _ & Hb').
    rewrite E1 in Ex. simplify_eq. apply (Ey q'). rewrite E2. do 2 f_equal. apply Hb'.
    destruct (proj1 Hb eq_refl) as [Hb1|[Hz He]]; [left; by eapply read_blocks_quiet|right].
    destruct Hr as (Hr1 & Hr2 & _). unfold read_error in *. rewrite Hr2. split; [|done].
    pose proof (segment_le n (pipe q)). destruct (segment_zero n (pipe p) (pk_ring _ Hok) Hz) as [|Hz0]; [|apply Hr1 in Hz0]; lia.
  - intros data x Hd Hcap Ex Ey. exists new. split; [done|]. destruct Hw as [|Hw]; [done|]. exfalso.
    destruct (sys_write_spec data p Hok Hd) as (p' & r & E1 & _ & _ & Hb & _).
    destruct (sys_write_spec data q Hq Hd) as (q' & r' & E2 & _ & _ & Hb' & _).
    rewrite E1 in Ex. simplify_eq. apply (Ey q'). rewrite E2. do 2 f_equal. apply Hb'.
    eapply write_blocks_quiet; [| | | |exact Hw|]; try done. by apply Hb.
Qed.

(** Writes to a pipe. A write of at most PIPE_BUF bytes is atomic: it is
    accepted whole or not at all. A longer one accepts a non-empty prefix. It is
    refused with EAGAIN exactly when there is no room for it, with EPERM exactly
    when the stream is sealed and with EPIPE (and SIGPIPE) exactly when nobody
    can read; a refused write leaves the stream as it was. *)
Theorem pipe_write_atomic {F D} (p0 p : Pipe F D) data : fresh_pipe p0 -> rtc pipe_step p0 p -> data <> [] ->
  let b := pipe p in
  exists q res, sys_write_pipe data p = Some (q, res) /\ marks (pipe q) = marks b
    /\ match res with
       | Ok n => (0 < n <= length data)%nat /\ (lenZ data <= PIPE_BUF -> n = length data)
                 /\ contents (pipe q) = contents b ++ (if read_count (ends b) =? 0 then [] else take n data)
       | Err e => contents (pipe q) = contents b
                  /\ (e = EAGAIN /\ q = p \/ e = EPERM /\ q = p \/ e = EPIPE /\ q = emit Sigpipe p)
       end
    /\ (res = Err EAGAIN <-> write_blocks data b)
    /\ (res = Err EPERM <-> write_sealed (stream b) = true)
    /\ (res = Err EPIPE <-> write_sealed (stream b) = false /\ is_read_end_open b = false).
Proof.
  intros H0 Hs Hd b. pose proof (reachable_pipe_ok _ _ H0 Hs) as Hok.
  destruct (sys_write_spec data p Hok Hd) as (q & res & E & _ & Hm & H1 & H2 & H3 & H4). exists q, res. by split_and!.
Qed.

(** The loop that cancels the blocked opens of a process is the plain
    removal: it takes exactly the waiters whose owner belongs to the process,
    in key order, and leaves all others. *)
Theorem cancel_opens_exact {F D} (p : Pipe F D) pid :
  (forall k w, waiters p !! k = Some w -> 0 <= k < 2 ^ 64) ->
  let ks := List.filter (fun k => owner_pid k =? pid) (owners (pipe p)) in
  exists q ws, cancel_fifo_opens_for_process pid p = (q, ws)
    /\ Forall2 (fun k w => waiters p !! k = Some w) ks ws
    /\ forall k, waiters q !! k = if owner_pid k =? pid then None else waiters p !! k.
Proof.
  apply cancel_process_spec.
Qed.

(** ** Witnesses *)

(** A pipe of eight bytes that holds "abc" and "de" with descriptor 7. *)
Definition witness_new : Pipe Z Z :=
  mkCtx (match try_new true 8 with Ok b => b | Err _ => empty 8 end) [].
Definition run_ok {A} (m : op (Pipe Z Z) A) (p : Pipe Z Z) : Pipe Z Z := match m p with Some (q, _) => q | None => p end.
Definition witness_pipe : Pipe Z Z :=
  run_ok (write_with_ancillary 24 witness_mem [100; 101] [7]) (run_ok (write [97; 98; 99]) witness_new).

Lemma witness_new_fresh : fresh_pipe witness_new.
Proof. split; [done|]. exists 8%nat, 0. split; [by vm_compute|]. left. eexists _, true. split; reflexivity. Qed.

Lemma witness_mem_ok : allocator_ok witness_mem.
Proof. intros n c. simpl. intros [= <-]. lia. Qed.

Lemma witness_pipe_reachable : rtc pipe_step witness_new witness_pipe.
Proof.
  eapply rtc_l; [eapply (s_write [97; 98; 99] witness_new); vm_compute; reflexivity|].
  eapply rtc_l; [eapply (s_write_rights 24 witness_mem [100; 101] [7]); [apply witness_mem_ok|vm_compute; reflexivity]|].
  vm_compute. apply rtc_refl.
Qed.

Lemma pipe_stream_fifo_witness :
  exists q accepted delivered, transfer [inr 2%nat; inl [1; 2; 3; 4; 5; 6; 7; 8; 9]; inr 100%nat] witness_pipe = Some (q, accepted, delivered)
    /\ contents (pipe witness_pipe) ++ accepted = delivered ++ contents (pipe q)
    /\ (length (contents (pipe q)) <= capacity (pipe witness_pipe))%nat.
Proof. apply (pipe_stream_fifo _ _ _ witness_new_fresh witness_pipe_reachable). by vm_compute. Defined.

Lemma pipe_rights_with_bytes_witness :
  exists q out, recv_message (fun f => Ok f) 100 false witness_pipe = Some (q, Ok out)
    /\ data_read out = [97; 98; 99; 100; 101] /\ received_fds out = Some [7].
Proof.
  destruct (pipe_rights_with_bytes _ _ witness_new_fresh witness_pipe_reachable) as [_ H].
  destruct (H (fun f => Ok f) 100%nat) as (q & out & E & _). exists q, out. split; [exact E|].
  vm_compute in E. injection E as _ <-. split; reflexivity.
Defined.

Definition witness_full : Pipe Z Z := run_ok (write [1; 2; 3; 4; 5; 6; 7; 8]) witness_new.

Lemma witness_full_reachable : rtc pipe_step witness_new witness_full.
Proof. eapply rtc_l; [eapply (s_write [1; 2; 3; 4; 5; 6; 7; 8]); vm_compute; reflexivity|]. vm_compute. apply rtc_refl. Qed.

Lemma blocked_pipe_calls_are_woken_witness :
  exists new, log (run_ok (write [1]) witness_new) = log witness_new ++ new /\ In (Wake (pipe_idx (pipe witness_new)) Readable) new.
Proof.
  destruct (blocked_pipe_calls_are_woken witness_new witness_new (run_ok (write [1]) witness_new) witness_new_fresh
    (rtc_refl _ _)) as [H _].
  - eapply (s_write [1]). vm_compute. reflexivity.
  - apply (H 4%nat witness_new); [vm_compute; reflexivity|]. intros y. vm_compute. discriminate.
Defined.

Lemma pipe_write_atomic_witness :
  exists q res, sys_write_pipe [9; 9] witness_full = Some (q, res) /\ (res = Err EAGAIN <-> write_blocks [9; 9] (pipe witness_full)).
Proof.
  destruct (pipe_write_atomic _ _ [9; 9] witness_new_fresh witness_full_reachable) as (q & res & E & _ & _ & H & _); [discriminate|].
  exists q, res. split; [exact E|exact H].
Defined.

Definition waiting (s : FifoOpenSide) : FifoOpenWaiter Z := mkWaiter s [47] 0 0 3 None false.
(** A FIFO with three blocked opens, two of them of process 5. *)
Definition witness_fifo : Pipe Z Z :=
  let b : PipeBuffer Z Z := new_fifo 8 (mkStat 0 0 0 1 0 0 0 0 0 0 0 0 0 0 0) in
  mkCtx (mkPipe 8 true 0 (mkRing (replicate 8 0) 0 0 0 0 IoBuffer.new) (mkEnds 3 0 0 0 false)
    (set_waiters (fifo b) (<[5 * 2 ^ 32 + 1 := waiting Reader]> (<[5 * 2 ^ 32 + 2 := waiting Reader]>
       {[6 * 2 ^ 32 := waiting Reader]}))) (stream b)) [].

Lemma cancel_opens_exact_witness :
  exists q ws, cancel_fifo_opens_for_process 5 witness_fifo = (q, ws)
    /\ waiters q !! (5 * 2 ^ 32 + 2) = None /\ waiters q !! (6 * 2 ^ 32) = Some (waiting Reader).
Proof.
  destruct (cancel_opens_exact witness_fifo 5) as (q & ws & E & _ & H).
  - intros k w Hk. unfold waiters in Hk. cbn [witness_fifo pipe fifo set_waiters fifo_open_waiters] in Hk.
    apply lookup_insert_Some in Hk as [[<- _]|[_ Hk]]; [lia|].
    apply lookup_insert_Some in Hk as [[<- _]|[_ Hk]]; [lia|]. apply lookup_singleton_Some in Hk as [<- _]. lia.
  - exists q, ws. split; [exact E|]. split; (etransitivity; [apply H|vm_compute; reflexivity]).
Defined.
