(* ===== verification/PipeEnds.v ===== *)
(** * The ends of a pipe

    A ledger of the references to the two ends of a pipe, and the theorem that
    the counters of the pipe agree with it. *)

From S2P Require Import Prelude IoBuffer Pipe.

(** Evaluate the comparison of two sides. *)
Ltac sides := repeat match goal with
  | H : _ = _ + (if decide _ then _ else _) |- _ => first [rewrite decide_True in H by done | rewrite decide_False in H by done]
  | H : _ = _ - (if decide _ then _ else _) |- _ => first [rewrite decide_True in H by done | rewrite decide_False in H by done]
  end.

Section Ends.
Context {F D : Type}.
Implicit Types (p q : Pipe F D) (k : InFlightPipeRefKind).

(** The references that exist outside the pipe: those that descriptors hold,
    and those on their way in a message. *)
Record Held : Type := mkHeld { kept : list InFlightPipeRefKind; sent : list InFlightPipeRefKind }.
Implicit Types h : Held.

(** The calls that make, move and drop no reference of their caller. Opens
    that wait keep theirs in the pipe. *)
Inductive quiet_step : Pipe F D -> Pipe F D -> Prop :=
  | q_shutdown_read p : quiet_step p (shutdown_read p)
  | q_shutdown_write p : quiet_step p (shutdown_write p)
  | q_seal_writes p : quiet_step p (seal_writes p)
  | q_fail_reads e p : quiet_step p (fail_reads_after_buffered e p)
  | q_finish_writes p : quiet_step p (finish_writes p)
  | q_reset_stream e p : quiet_step p (reset_stream e p)
  | q_take_error p : quiet_step p (fst (take_stream_error p))
  | q_prepare_io g p : quiet_step p (on_pipe (fun b => fst (prepare_fifo_io g b)) p)
  | q_add_name p : quiet_step p (add_fifo_name p)
  | q_remove_name p : quiet_step p (remove_fifo_name p)
  | q_remove_name_at sec nsec p : quiet_step p (remove_fifo_name_at sec nsec p)
  | q_metadata st p : quiet_step p (update_fifo_metadata st p)
  | q_publish_open w p : quiet_step p (publish_fifo_open w p)
  | q_publish_rw p : quiet_step p (publish_fifo_read_write_open p)
  | q_release_waiters w p : quiet_step p (release_fifo_open_waiters w p)
  | q_write data p q res : write data p = Some (q, res) -> quiet_step p q
  | q_write_rights size mem data batch p q res : allocator_ok mem ->
      write_with_ancillary size mem data batch p = Some (q, res) -> quiet_step p q
  | q_recv_message clone n pk p q res : recv_message clone n pk p = Some (q, res) -> quiet_step p q
  | q_recv_plain n pk p q res : recv_plain n pk p = Some (q, res) -> quiet_step p q.

(** The reference an opener of one side holds. *)
Definition end_of (s : FifoOpenSide) (ro : bool) : InFlightPipeRefKind := match s with Reader => Read ro | Writer => Write end.

(** The calls with the references they make and drop. A caller closes or
    adopts a reference that exists. *)
Inductive held_step : Held * Pipe F D -> Held * Pipe F D -> Prop :=
  | h_quiet h p q : quiet_step p q -> held_step (h, p) (h, q)
  | h_add k h p q res : prepared (pipe p) -> add_reference k p = Some (q, res) -> held_step (h, p) (mkHeld (k :: kept h) (sent h), q)
  | h_close k l h p : Permutation (kept h) (k :: l) -> held_step (h, p) (mkHeld l (sent h), close_reference k p)
  | h_close_orderly ro l h p : Permutation (kept h) (Read ro :: l) -> held_step (h, p) (mkHeld l (sent h), close_read_end_orderly p)
  | h_retain k h p q res : prepared (pipe p) -> retain_in_flight_reference k p = Some (q, res) ->
      held_step (h, p) (mkHeld (kept h) (k :: sent h), q)
  | h_adopt k l h p : Permutation (sent h) (k :: l) -> held_step (h, p) (mkHeld (k :: kept h) l, adopt_in_flight_reference k p)
  | h_release k l h p : Permutation (sent h) (k :: l) -> held_step (h, p) (mkHeld (kept h) l, release_in_flight_reference k p)
  | h_add_endpoint s ro h p q res : prepared (pipe p) -> add_fifo_endpoint_ref s p = Some (q, res) ->
      held_step (h, p) (mkHeld (end_of s ro :: kept h) (sent h), q)
  | h_reserve_open o w h p q res : prepared (pipe p) -> publish_fifo_open_reservation o w p = Some (q, res) -> held_step (h, p) (h, q)
  | h_take_ready o ro h p : held_step (h, p)
      (match snd (take_ready_fifo_open o p) with Some w => mkHeld (end_of (side w) ro :: kept h) (sent h) | None => h end,
       fst (take_ready_fifo_open o p))
  | h_cancel o h p : held_step (h, p) (h, fst (cancel_fifo_open o p))
  | h_cancel_process pid h p : held_step (h, p) (h, fst (cancel_fifo_opens_for_process pid p)).

Lemma quiet_pipe_step p q : quiet_step p q -> pipe_step p q.
Proof.
  destruct 1; [apply s_shutdown_read|apply s_shutdown_write|apply s_seal_writes|apply s_fail_reads|apply s_finish_writes|apply s_reset_stream|
    apply s_take_error|apply s_prepare_io|apply s_add_name|apply s_remove_name|apply s_remove_name_at|apply s_metadata|apply s_publish_open|
    apply s_publish_rw|apply s_release_waiters|by eapply s_write|by eapply s_write_rights|by eapply s_recv_message|by eapply s_recv_plain].
Qed.

Lemma held_pipe_step s s' : held_step s s' -> pipe_step (snd s) (snd s').
Proof.
  destruct 1; cbn [snd]; [by apply quiet_pipe_step|by eapply s_add|apply s_close|apply s_close_orderly|by eapply s_retain|apply s_adopt|apply s_release|
    by eapply s_add_endpoint|by eapply s_reserve_open|apply s_take_ready|apply s_cancel|apply s_cancel_process].
Qed.

(** How many references of a list are to an end. *)
Definition count (g : InFlightPipeRefKind -> bool) (l : list InFlightPipeRefKind) : Z := foldr (fun k n => Z.b2z (g k) + n) 0 l.

Lemma count_perm g l l' : Permutation l l' -> count g l = count g l'.
Proof. induction 1; simpl; lia. Qed.

Lemma count_nonneg g l : 0 <= count g l.
Proof. induction l as [|k l IH]; simpl; [done|]. destruct (g k); simpl; lia. Qed.

(** The counters are the number of references: those of descriptors, those in
    transit and those of waiting opens. *)
Record counts_exact h p : Prop := {
  ce_reads : read_count (ends (pipe p)) = count reads (kept h) + count reads (sent h) + refs side (waiters p) Reader;
  ce_writes : write_count (ends (pipe p)) = count writes (kept h) + count writes (sent h) + refs side (waiters p) Writer;
  ce_sent_reads : in_flight_read_count (ends (pipe p)) = count reads (sent h);
  ce_sent_writes : in_flight_write_count (ends (pipe p)) = count writes (sent h);
}.

(** Waiting opens change at most their state of readiness. *)
Definition same_sides p q : Prop := forall s, refs side (waiters q) s = refs side (waiters p) s.

(** The changes a call makes to the four counters. *)
Record moved (r w ir iw : Z) p q : Prop := {
  mv_reads : read_count (ends (pipe q)) = read_count (ends (pipe p)) + r;
  mv_writes : write_count (ends (pipe q)) = write_count (ends (pipe p)) + w;
  mv_sent_reads : in_flight_read_count (ends (pipe q)) = in_flight_read_count (ends (pipe p)) + ir;
  mv_sent_writes : in_flight_write_count (ends (pipe q)) = in_flight_write_count (ends (pipe p)) + iw;
}.

Lemma moved_trans r1 w1 ir1 iw1 r2 w2 ir2 iw2 p1 p2 p3 : moved r1 w1 ir1 iw1 p1 p2 -> moved r2 w2 ir2 iw2 p2 p3 ->
  moved (r1 + r2) (w1 + w2) (ir1 + ir2) (iw1 + iw2) p1 p3.
Proof. intros [] []. split; lia. Qed.

Lemma moved_ends p q : ends (pipe q) = ends (pipe p) -> moved 0 0 0 0 p q.
Proof. intros E. split; rewrite E; lia. Qed.

Lemma pred_pos n : 0 < n -> pred_u32 n = n - 1.
Proof. unfold pred_u32, saturating_sub. lia. Qed.

Lemma refs_side_fmap (f : FifoOpenWaiter D -> FifoOpenWaiter D) (ws : gmap Z (FifoOpenWaiter D)) s : (forall w, side (f w) = side w) ->
  refs side (f <$> ws) s = refs side ws s.
Proof. intros H. unfold refs. rewrite map_filter_fmap, map_size_fmap. do 2 f_equal. apply map_filter_ext. intros i w _. simpl. by rewrite H. Qed.

Lemma side_release s (w : FifoOpenWaiter D) : side (release_side s w) = side w.
Proof. unfold release_side. by case_match. Qed.

(** ** Calls that touch no reference *)

Definition quiet p q : Prop := moved 0 0 0 0 p q /\ same_sides p q.

Lemma quiet_fields p q : ends (pipe q) = ends (pipe p) -> waiters q = waiters p -> quiet p q.
Proof. intros E W. split; [by apply moved_ends|]. intros s. by rewrite W. Qed.

Lemma quiet_ring_only p q : ring_only p q -> quiet p q.
Proof. intros H. destruct (ring_only_fields _ _ H) as (_ & _ & R3 & _ & R5). apply quiet_fields; [done|]. unfold waiters. by rewrite R5. Qed.

Lemma quiet_step_quiet p q : pipe_ok (pipe p) -> quiet_step p q -> quiet p q.
Proof.
  intros Hok Hs. destruct Hs as [p|p|p|e p|p|e p|p|g p|p|p|sec nsec p|st p|w p|p|w p|data p q res E|size mem data batch p q res Hm E|clone n pk p q res E|n pk p q res E].
  all: try (apply quiet_fields; unfold shutdown_read, shutdown_write, reset_stream; repeat case_match; done).
  - destruct (prepare_fifo_io_fields g (pipe p)) as (_ & _ & R3 & _). apply quiet_fields; [done|]. unfold waiters, prepare_fifo_io, prepare_buffer. simpl. by repeat case_match.
  - split; [apply moved_ends; by destruct w|]. intros s. destruct w; apply refs_side_fmap, side_release.
  - split; [by apply moved_ends|]. intros s. by apply refs_side_fmap.
  - unfold release_fifo_open_waiters. split; [apply moved_ends; by case_match|]. intros s. case_match; apply refs_side_fmap, side_release.
  - destruct (write_spec p data Hok) as [[_ Ew]|(_ & r & _ & Ew)]; rewrite Ew in E; simplify_eq; [|case_match]; by apply quiet_fields.
  - destruct (decide (batch = [])) as [->|Hb].
    { unfold write_with_ancillary in E. simpl in E. destruct (write_spec p data Hok) as [[_ Ew]|(_ & r & _ & Ew)]; rewrite Ew in E; simplify_eq; [|case_match]; by apply quiet_fields. }
    destruct (write_with_ancillary_spec p size mem data batch Hok Hm Hb) as (q' & r' & E' & _ & Hr & _). rewrite E' in E. simplify_eq. by apply quiet_ring_only.
  - destruct (recv_message_spec clone n p Hok) as [E1 (q' & E2 & Hc & _)]. destruct pk; [rewrite E1 in E; repeat case_match; simplify_eq; by apply quiet_fields|].
    rewrite E2 in E. simplify_eq. apply quiet_ring_only. by destruct Hc as (_ & ? & _).
  - destruct (recv_plain_spec n p Hok) as [E1 (q' & E2 & Hc & _)]. destruct pk; [rewrite E1 in E; simplify_eq; by apply quiet_fields|].
    rewrite E2 in E. simplify_eq. apply quiet_ring_only. by destruct Hc as (_ & ? & _).
Qed.
(** ** Calls that make and drop references *)

(** Counters that move and waiting opens that stay. *)
Definition shifts (r w ir iw : Z) p q : Prop := moved r w ir iw p q /\ waiters q = waiters p.

Lemma shifts_trans r1 w1 ir1 iw1 r2 w2 ir2 iw2 p1 p2 p3 : shifts r1 w1 ir1 iw1 p1 p2 -> shifts r2 w2 ir2 iw2 p2 p3 ->
  shifts (r1 + r2) (w1 + w2) (ir1 + ir2) (iw1 + iw2) p1 p3.
Proof. intros [M1 W1] [M2 W2]. split; [by eapply moved_trans|congruence]. Qed.

Lemma add_reader_shifts p q res : add_reader p = Some (q, res) -> shifts 1 0 0 0 p q /\ res = Ok tt.
Proof.
  unfold add_reader, checked_add. destruct (_ <=? u32_max); [|done]. intros [= <- <-].
  split; [|done]. split; [|done]. split; simpl; lia.
Qed.

Lemma add_writer_shifts p q res : add_writer p = Some (q, res) -> shifts 0 1 0 0 p q /\ res = Ok tt.
Proof.
  unfold add_writer, checked_add. destruct (_ <=? u32_max); [|done]. intros [= <- <-].
  split; [|done]. split; [|done]. split; simpl; lia.
Qed.

Lemma add_endpoint_shifts s ro p q res : add_fifo_endpoint_ref s p = Some (q, res) ->
  shifts (Z.b2z (reads (end_of s ro))) (Z.b2z (writes (end_of s ro))) 0 0 p q.
Proof. destruct s; intros E; [by eapply add_reader_shifts|by eapply add_writer_shifts]. Qed.

Lemma add_reference_shifts k p q res : add_reference k p = Some (q, res) -> shifts (Z.b2z (reads k)) (Z.b2z (writes k)) 0 0 p q /\ res = Ok tt.
Proof.
  destruct k as [|ro| |]; cbn [add_reference reads writes Z.b2z]; unfold op_bind, op_modify.
  - intros [= <- <-]. split; [|done]. split; [by apply moved_ends|done].
  - destruct (add_reader p) as [[p1 r1]|] eqn:E1; [|done]. apply add_reader_shifts in E1 as [S ->].
    destruct ro; unfold op_ret; intros [= <- <-]; [|done]. split; [|done].
    apply (shifts_trans 1 0 0 0 0 0 0 0 p p1); [done|]. split; [by apply moved_ends|done].
  - apply add_writer_shifts.
  - destruct (add_reader p) as [[p1 r1]|] eqn:E1; [|done]. apply add_reader_shifts in E1 as [S ->]. intros [S' ->]%add_writer_shifts.
    split; [|done]. by apply (shifts_trans 1 0 0 0 0 1 0 0 p p1).
Qed.

Lemma release_idle_ends (b : PipeBuffer F D) : ends (release_fifo_buffer_if_idle b) = ends b.
Proof. unfold release_fifo_buffer_if_idle. by case_match. Qed.

Lemma forget_stream_ends p : ends (pipe (forget_stream p)) = ends (pipe p).
Proof. unfold forget_stream. by case_match. Qed.

Lemma close_read_end_shifts p : 0 < read_count (ends (pipe p)) -> shifts (-1) 0 0 0 p (close_read_end p).
Proof.
  intros H. split; [|apply close_read_end_waiters]. unfold close_read_end. set (p0 := if read_count (ends (pipe p)) =? 1 then _ else p).
  assert (pipe p0 = pipe p) as E by (unfold p0; by case_match). cbn [pipe push_wake emit on_pipe].
  split; cbn [pipe push_wake emit on_pipe]; rewrite release_idle_ends; (case_match; [rewrite forget_stream_ends|]);
    cbn [put_ends on_pipe pipe set_ends ends read_count write_count in_flight_read_count in_flight_write_count]; rewrite E; rewrite ?pred_pos by done; lia.
Qed.

Lemma close_read_end_orderly_shifts p : 0 < read_count (ends (pipe p)) -> shifts (-1) 0 0 0 p (close_read_end_orderly p).
Proof.
  intros H. split.
  - unfold close_read_end_orderly. split; cbn [pipe push_wake emit on_pipe]; rewrite release_idle_ends; (case_match; [rewrite forget_stream_ends|]);
    cbn [put_ends on_pipe pipe set_ends ends read_count write_count in_flight_read_count in_flight_write_count]; rewrite ?pred_pos by done; lia.
  - unfold close_read_end_orderly, waiters. cbn [pipe push_wake emit on_pipe].
    match goal with |- context [release_fifo_buffer_if_idle ?b] => destruct (release_idle_fields b) as (_ & _ & _ & _ & E & _) end.
    etransitivity; [apply f_equal, E|]. repeat case_match; done.
Qed.

Lemma close_write_end_shifts p : 0 < write_count (ends (pipe p)) -> shifts 0 (-1) 0 0 p (close_write_end p).
Proof.
  intros H. split; [|apply close_write_end_waiters]. unfold close_write_end. set (p0 := if write_count (ends (pipe p)) =? 1 then _ else p).
  assert (pipe p0 = pipe p) as E by (unfold p0; by case_match). cbv zeta. set (p1 := put_ends _ p0).
  assert (moved 0 (-1) 0 0 p p1) as M by (split; cbn [p1 put_ends on_pipe pipe set_ends ends read_count write_count in_flight_read_count in_flight_write_count]; rewrite E; rewrite ?pred_pos by done; lia).
  destruct M as [M1 M2 M3 M4]. split; cbn [pipe push_wake emit on_pipe]; rewrite release_idle_ends; repeat case_match; assumption.
Qed.

Lemma retire_cohort_shifts p : shifts 0 0 0 0 p (retire_cohort p).
Proof. split; [|apply retire_cohort_waiters]. unfold retire_cohort. case_match; by apply moved_ends. Qed.

Lemma close_reference_shifts k p : (reads k = true -> 0 < read_count (ends (pipe p))) -> (writes k = true -> 0 < write_count (ends (pipe p))) ->
  shifts (- Z.b2z (reads k)) (- Z.b2z (writes k)) 0 0 p (close_reference k p).
Proof.
  destruct k as [|[]| |]; cbn [close_reference reads writes Z.b2z]; intros Hr Hw.
  - split; [by apply moved_ends|done].
  - unfold close_fifo_read_only. set (p1 := on_fifo _ p). assert (shifts 0 0 0 0 p p1) as S by (split; [by apply moved_ends|done]).
    apply (shifts_trans 0 0 0 0 (-1) 0 0 0 p p1); [done|]. eapply (shifts_trans (-1) 0 0 0 0 0 0 0); [|apply retire_cohort_shifts].
    apply close_read_end_shifts. by apply Hr.
  - by apply close_read_end_shifts, Hr.
  - by apply close_write_end_shifts, Hw.
  - pose proof (close_read_end_shifts p (Hr eq_refl)) as S. apply (shifts_trans (-1) 0 0 0 0 (-1) 0 0 p (close_read_end p)); [done|].
    apply close_write_end_shifts. destruct S as [[_ -> _ _] _]. specialize (Hw eq_refl). lia.
Qed.

Lemma retain_shifts k p q res : retain_in_flight_reference k p = Some (q, res) ->
  shifts (Z.b2z (reads k)) (Z.b2z (writes k)) (Z.b2z (reads k)) (Z.b2z (writes k)) p q.
Proof.
  unfold retain_in_flight_reference, op_bind, op_get, op_modify, op_panic. destruct (add_reference k p) as [[p1 r1]|] eqn:E1; [|done].
  apply add_reference_shifts in E1 as [S ->]. unfold checked_add. intros E.
  eapply (shifts_trans _ _ 0 0 0 0 (Z.b2z (reads k)) (Z.b2z (writes k)) p p1) in S.
  - rewrite !Z.add_0_r, !Z.add_0_l in S. exact S.
  - repeat case_match; simplify_eq; (split; [|done]); split; simpl; rewrite ?H, ?H0; simpl; lia.
Qed.

Lemma adopt_shifts k p : (reads k = true -> 0 < in_flight_read_count (ends (pipe p))) -> (writes k = true -> 0 < in_flight_write_count (ends (pipe p))) ->
  shifts 0 0 (- Z.b2z (reads k)) (- Z.b2z (writes k)) p (adopt_in_flight_reference k p).
Proof.
  intros Hr Hw. split; [|done]. unfold adopt_in_flight_reference.
  split; cbn [put_ends on_pipe pipe set_ends ends read_count write_count in_flight_read_count in_flight_write_count]; [lia|lia|..].
  - destruct (reads k); simpl; [|lia]. rewrite pred_pos by auto. lia.
  - destruct (writes k); simpl; [|lia]. rewrite pred_pos by auto. lia.
Qed.
(** ** The ledger *)

Lemma counts_shift r w ir iw h h' p q : counts_exact h p -> shifts r w ir iw p q ->
  count reads (kept h') = count reads (kept h) + (r - ir) -> count writes (kept h') = count writes (kept h) + (w - iw) ->
  count reads (sent h') = count reads (sent h) + ir -> count writes (sent h') = count writes (sent h) + iw -> counts_exact h' q.
Proof. intros [C1 C2 C3 C4] [[M1 M2 M3 M4] W] E1 E2 E3 E4. split; rewrite ?W; lia. Qed.

(** A reference of the ledger keeps its counter above zero. *)
Lemma counts_held h p k l : counts_exact h p -> Permutation (kept h) (k :: l) ->
  (reads k = true -> 0 < read_count (ends (pipe p))) /\ (writes k = true -> 0 < write_count (ends (pipe p))).
Proof.
  intros [-> -> _ _] Hp. rewrite !(count_perm _ _ _ Hp). cbn [count foldr]. fold (count reads l) (count writes l).
  pose proof (count_nonneg reads l). pose proof (count_nonneg writes l). pose proof (count_nonneg reads (sent h)). pose proof (count_nonneg writes (sent h)).
  pose proof (refs_nonneg side (waiters p) Reader). pose proof (refs_nonneg side (waiters p) Writer).
  split; intros ->; simpl; lia.
Qed.

Lemma counts_sent h p k l : counts_exact h p -> Permutation (sent h) (k :: l) ->
  (reads k = true -> 0 < in_flight_read_count (ends (pipe p)) /\ 0 < read_count (ends (pipe p)))
  /\ (writes k = true -> 0 < in_flight_write_count (ends (pipe p)) /\ 0 < write_count (ends (pipe p))).
Proof.
  intros [-> -> -> ->] Hp. rewrite !(count_perm _ _ _ Hp). cbn [count foldr]. fold (count reads l) (count writes l).
  pose proof (count_nonneg reads l). pose proof (count_nonneg writes l). pose proof (count_nonneg reads (kept h)). pose proof (count_nonneg writes (kept h)).
  pose proof (refs_nonneg side (waiters p) Reader). pose proof (refs_nonneg side (waiters p) Writer).
  split; intros ->; simpl; lia.
Qed.

Lemma counts_quiet h p q : counts_exact h p -> quiet p q -> counts_exact h q.
Proof. intros [C1 C2 C3 C4] [[M1 M2 M3 M4] W]. split; rewrite ?W; lia. Qed.

Lemma reserve_counts o w h p q res : counts_exact h p -> publish_fifo_open_reservation o w p = Some (q, res) -> counts_exact h q.
Proof.
  intros [C1 C2 C3 C4]. unfold publish_fifo_open_reservation, op_get, op_bind, op_panic, op_modify.
  case_bool_decide as Hn; [done|]. apply eq_None_not_Some in Hn. set (p1 := on_fifo _ p). intros E.
  assert (forall s, refs side (waiters p1) s = refs side (waiters p) s + (if decide (side w = s) then 1 else 0)) as W1
    by (intros s; by apply refs_insert).
  destruct (side w); [apply add_reader_shifts in E as [[[M1 M2 M3 M4] W] _]|apply add_writer_shifts in E as [[[M1 M2 M3 M4] W] _]];
    pose proof (W1 Reader) as WR; pose proof (W1 Writer) as WW; sides;
    change (ends (pipe p1)) with (ends (pipe p)) in M1, M2, M3, M4; split; rewrite ?W; lia.
Qed.

Lemma cancel_counts o h p : counts_exact h p -> counts_exact h (fst (cancel_fifo_open o p)).
Proof.
  intros C. pose proof C as [C1 C2 C3 C4]. destruct (cancel_waiters o p) as [Hw _]. unfold cancel_fifo_open, remove_fifo_open_waiter in *. fold (waiters p) in *.
  destruct (waiters p !! o) as [w|] eqn:E; [|done]. cbn [fst] in *. set (p1 := on_fifo _ p) in *.
  pose proof (refs_delete side (waiters p) o w Reader E) as WR. pose proof (refs_delete side (waiters p) o w Writer E) as WW.
  pose proof (refs_pos side (waiters p) o w E) as Hpos.
  assert (0 <= count reads (kept h) + count reads (sent h) /\ 0 <= count writes (kept h) + count writes (sent h)) as [Hr0 Hw0]
    by (pose proof (count_nonneg reads (kept h)); pose proof (count_nonneg writes (kept h)); pose proof (count_nonneg reads (sent h)); pose proof (count_nonneg writes (sent h)); lia).
  destruct (side w); sides.
  - assert (moved (-1) 0 0 0 p1 (retire_cohort (close_read_end p1))) as [M1 M2 M3 M4].
    { apply (moved_trans (-1) 0 0 0 0 0 0 0 p1 (close_read_end p1)); [apply close_read_end_shifts; simpl; lia|apply retire_cohort_shifts]. }
    change (ends (pipe p1)) with (ends (pipe p)) in M1, M2, M3, M4. split; rewrite ?Hw; lia.
  - assert (moved 0 (-1) 0 0 p1 (close_write_end p1)) as [M1 M2 M3 M4] by (apply close_write_end_shifts; simpl; lia).
    change (ends (pipe p1)) with (ends (pipe p)) in M1, M2, M3, M4. split; rewrite ?Hw; lia.
Qed.

Lemma cancel_from_counts fuel pid o h p : counts_exact h p -> counts_exact h (fst (cancel_from fuel pid o p)).
Proof.
  revert o p. induction fuel as [|fuel IH]; intros o p C; [done|]. destruct o as [o|]; [|done]. cbn [cancel_from].
  pose proof (cancel_counts o h p C) as C1. destruct (cancel_fifo_open o p) as [p1 w]. cbn [fst] in C1.
  match goal with |- context [cancel_from fuel pid ?n p1] => specialize (IH n p1 C1); destruct (cancel_from fuel pid n p1) end. done.
Qed.

Lemma take_ready_counts o ro h p : counts_exact h p ->
  counts_exact (match snd (take_ready_fifo_open o p) with Some w => mkHeld (end_of (side w) ro :: kept h) (sent h) | None => h end)
    (fst (take_ready_fifo_open o p)).
Proof.
  intros C. pose proof C as [C1 C2 C3 C4]. unfold take_ready_fifo_open. fold (waiters p). destruct (waiters p !! o) as [w|] eqn:E; [|done].
  destruct (ready w); [|done]. unfold remove_fifo_open_waiter. fold (waiters p). rewrite E. cbn [fst snd]. set (p1 := on_fifo _ p).
  assert (waiters p1 = delete o (waiters p)) as W by done.
  pose proof (refs_delete side (waiters p) o w Reader E) as WR. pose proof (refs_delete side (waiters p) o w Writer E) as WW.
  destruct (side w); sides; split; rewrite ?W; simpl; lia.
Qed.

Lemma held_step_exact s s' : pipe_ok (pipe (snd s)) -> counts_exact (fst s) (snd s) -> held_step s s' -> counts_exact (fst s') (snd s').
Proof.
  intros Hok C Hs. destruct Hs as [h p q Hq|k h p q res _ E|k l h p Hp|ro l h p Hp|k h p q res _ E|k l h p Hp|k l h p Hp|s ro h p q res _ E|
    o w h p q res _ E|o ro h p|o h p|pid h p]; cbn [fst snd] in *.
  - eapply counts_quiet; [done|]. by apply quiet_step_quiet.
  - apply add_reference_shifts in E as [S _]. eapply counts_shift; [done|exact S|simpl; lia..].
  - destruct (counts_held _ _ _ _ C Hp) as [H1 H2]. eapply counts_shift; [done|by apply close_reference_shifts|..]; cbn [kept sent]; try lia;
      rewrite (count_perm _ _ _ Hp); simpl; lia.
  - destruct (counts_held _ _ _ _ C Hp) as [H1 _]. eapply counts_shift; [done|by apply close_read_end_orderly_shifts, H1|..]; cbn [kept sent]; try lia;
      rewrite (count_perm _ _ _ Hp); simpl; lia.
  - apply retain_shifts in E. eapply counts_shift; [done|exact E|simpl; lia..].
  - destruct (counts_sent _ _ _ _ C Hp) as [H1 H2]. eapply counts_shift; [done|apply adopt_shifts; naive_solver|..]; cbn [kept sent];
      rewrite ?(count_perm _ _ _ Hp); simpl; lia.
  - destruct (counts_sent _ _ _ _ C Hp) as [H1 H2]. eapply counts_shift; [done| |..].
    + unfold release_in_flight_reference. eapply (shifts_trans 0 0); [apply adopt_shifts; naive_solver|].
      apply close_reference_shifts; simpl; naive_solver.
    + cbn [kept]. lia.
    + cbn [kept]. lia.
    + cbn [sent]. rewrite (count_perm _ _ _ Hp). simpl. lia.
    + cbn [sent]. rewrite (count_perm _ _ _ Hp). simpl. lia.
  - apply (add_endpoint_shifts s ro) in E. eapply counts_shift; [done|exact E|simpl; lia..].
  - by eapply reserve_counts.
  - by apply take_ready_counts.
  - by apply cancel_counts.
  - by apply cancel_from_counts.
Qed.

(** The references of a pipe as created: one to each end, none to a FIFO. *)
Definition first_held p : Held := mkHeld (if is_fifo (fifo (pipe p)) then [] else [Read false; Write]) [].

Lemma fresh_counts p : fresh_pipe p -> counts_exact (first_held p) p.
Proof.
  intros (_ & cap & i & _ & H). unfold first_held. assert (refs (@side D) (∅ : gmap Z _) Reader = 0 /\ refs (@side D) (∅ : gmap Z _) Writer = 0) as [R W] by (split; apply refs_empty).
  destruct H as [(b & g & E & Hp)|(st & Hp)].
  - unfold try_new, prepare_buffer in E. destruct (checked_mul _ _ _); [|done]. destruct g; [|done]. simplify_eq/=.
    split; unfold waiters; rewrite Hp; simpl; rewrite ?R, ?W; lia.
  - cbv zeta in Hp. split; unfold waiters; rewrite Hp; simpl; rewrite ?R, ?W; lia.
Qed.

Lemma held_run_exact s s' : pipe_ok (pipe (snd s)) -> counts_exact (fst s) (snd s) -> rtc held_step s s' -> counts_exact (fst s') (snd s').
Proof.
  intros Hok C Hs. induction Hs as [|s s1 s' H _ IH]; [done|]. apply IH; [|by eapply held_step_exact].
  eapply step_keeps; [exact Hok|]. by apply held_pipe_step.
Qed.
End Ends.


(** Bytes and a descriptor are written, the reader is duplicated, one of its
    copies is closed and a reference to the writer is put into a message. *)
Definition duplicated : Pipe Z Z := run_ok (add_reference (Read false)) witness_pipe.
Definition closed_one : Pipe Z Z := close_reference (Read false) duplicated.
Definition sent_writer : Pipe Z Z := run_ok (retain_in_flight_reference Write) closed_one.

Lemma sent_writer_held : rtc held_step (first_held witness_new, witness_new) (mkHeld [Read false; Write] [Write], sent_writer).
Proof.
  eapply rtc_l; [eapply h_quiet, (q_write [97; 98; 99] witness_new); vm_compute; reflexivity|].
  eapply rtc_l; [eapply h_quiet, (q_write_rights 24 witness_mem [100; 101] [7]); [apply witness_mem_ok|vm_compute; reflexivity]|].
  eapply rtc_l; [eapply (h_add (Read false)); vm_compute; reflexivity|].
  eapply rtc_l; [apply (h_close (Read false) [Read false; Write]); reflexivity|].
  eapply rtc_l; [eapply (h_retain Write); vm_compute; reflexivity|]. vm_compute. apply rtc_refl.
Qed.

Lemma sent_writer_reachable : rtc pipe_step witness_new sent_writer.
Proof. exact (rtc_congruence snd pipe_step _ _ held_pipe_step sent_writer_held). Qed.

