(* ===== verification/PipeTable.v ===== *)
(** * The pipe table (crates/runtime-core/src/pipe.rs, [PipeTable])

    The machine-wide table of pipe buffers: a vector of optional slots and the
    lowest index that may be free. Allocation takes the lowest free slot, a
    pair of pipes two adjacent ones (the host bridge relies on it), and a slot
    is freed when its pipe is fully closed. A method of a pipe in the table
    runs through [on_slot], which threads the event log. *)

From S2P Require Import Prelude IoBuffer Pipe.

Record PipeTable (F D : Type) : Type := mkTable { pipes : IoBuffer (option (PipeBuffer F D)); first_free : nat }.
Arguments mkTable {F D}. Arguments pipes {F D}. Arguments first_free {F D}.

(** The table with the events so far. *)
Record Table (F D : Type) : Type := mkTab { table : PipeTable F D; events : list (event F) }.
Arguments mkTab {F D}. Arguments table {F D}. Arguments events {F D}.

Section Methods.
Context {F D : Type}.
Variable slot_size : Z.              (** [size_of::<Option<PipeBuffer>>()] *)
Implicit Types (t : Table F D) (b : PipeBuffer F D).

Definition new_table : PipeTable F D := mkTable IoBuffer.new 0.
Definition slots t : list (option (PipeBuffer F D)) := values (pipes (table t)).

Definition get t (idx : nat) : option (PipeBuffer F D) :=
  match slots t !! idx with Some (Some b) => Some b | _ => None end.

Definition set_slots t (l : list (option (PipeBuffer F D))) (ff : nat) : Table F D :=
  mkTab (mkTable (mkIoBuffer l (IoBuffer.capacity (pipes (table t)))) ff) (events t).
Definition put t (idx : nat) b : Table F D := set_slots t (<[idx := Some b]> (slots t)) (first_free (table t)).

(** [self.get_mut(idx)] followed by a method of the pipe. *)
Definition on_slot {A} (idx : nat) (m : op (Pipe F D) A) : op (Table F D) (option A) := fun t =>
  match get t idx with
  | None => Some (t, Ok None)
  | Some b =>
      match m (mkCtx b (events t)) with
      | None => None
      | Some (p, res) =>
          Some (mkTab (table (put t idx (pipe p))) (log p), match res with Ok a => Ok (Some a) | Err e => Err e end)
      end
  end.
(** A method that cannot fail. *)
Definition with_slot (idx : nat) (g : Pipe F D -> Pipe F D) t : Table F D :=
  match get t idx with
  | None => t
  | Some b => let p := g (mkCtx b (events t)) in mkTab (table (put t idx (pipe p))) (log p)
  end.

Definition is_none {A} (o : option A) : bool := match o with None => true | Some _ => false end.

(** ** Allocation *)

Definition on_vector {A} (m : op (IoBuffer (option (PipeBuffer F D))) A) : op (Table F D) A := fun t =>
  match m (pipes (table t)) with
  | None => None
  | Some (v, res) => Some (mkTab (mkTable v (first_free (table t))) (events t), res)
  end.

Definition prepare_length (mem : Memory) (length : Z) : op (Table F D) unit :=
  if u32_max <? length then op_err ENOMEM
  else
    do! cap <- op_get (fun t => IoBuffer.capacity (pipes (table t)));
    if cap <? length
    then on_vector (reserve_with slot_size mem (Z.max (Z.max length (saturating_mul usize_max cap 2)) 4))
    else op_ret tt.

Definition prepare_slot (mem : Memory) : op (Table F D) nat :=
  do! t <- op_get id;
  let ff := first_free (table t) in
  do! _ <- op_assert (fun _ => (ff <=? length (slots t))%nat);
  match position is_none (drop ff (slots t)) with
  | Some offset => op_ret (ff + offset)%nat
  | None =>
      let index := length (slots t) in
      do! want <- op_lift (ok_or (checked_add usize_max (Z.of_nat index) 1) ENOMEM);
      do! _ <- prepare_length mem want;
      op_ret index
  end.

(** [prepare_slots]; [imem] serves the reservation of the index vector. *)
Definition free_from (ff : nat) (l : list (option (PipeBuffer F D))) : list nat :=
  map (fun i => ff + i)%nat
    (List.filter (fun i => match drop ff l !! i with Some None => true | _ => false end) (seq 0 (length l - ff))).
Definition prepare_slots (imem mem : Memory) (count : nat) : op (Table F D) (list nat) :=
  do! t <- op_get id;
  match reserve_with 4 imem (Z.of_nat count) (@IoBuffer.new nat) with
  | Some (_, Ok _) =>
      let reused := take count (free_from (first_free (table t)) (slots t)) in
      let appended := (count - length reused)%nat in
      do! want <- op_lift (ok_or (checked_add usize_max (lenZ (slots t)) (Z.of_nat appended)) ENOMEM);
      do! _ <- prepare_length mem want;
      op_ret (reused ++ seq (length (slots t)) appended)
  | Some (_, Err e) => op_err e
  | None => op_panic
  end.

Definition with_index (idx : nat) b : PipeBuffer F D :=
  mkPipe (Pipe.capacity b) (reserved b) (Z.of_nat idx) (ring b) (ends b) (fifo b) (stream b).

Definition publish_prepared (index : nat) b : op (Table F D) unit :=
  do! _ <- op_assert (fun _ => Z.of_nat index <=? u32_max);
  do! t <- op_get id;
  let b := with_index index b in
  let ff := if (first_free (table t) =? index)%nat then S index else first_free (table t) in
  if (index =? length (slots t))%nat then
    do! _ <- on_vector (push (Some b));
    op_modify (fun t => set_slots t (slots t) ff)
  else
    match slots t !! index with
    | Some None => op_modify (fun t => set_slots t (<[index := Some b]> (slots t)) ff)
    | _ => op_panic
    end.

Definition try_alloc (mem : Memory) b : op (Table F D) nat :=
  do! index <- prepare_slot mem;
  do! _ <- publish_prepared index b;
  op_ret index.

Definition two_free (w : option (PipeBuffer F D) * option (PipeBuffer F D)) : bool := is_none (fst w) && is_none (snd w).
(** [windows(2)]. *)
Definition windows {A} (l : list A) : list (A * A) := zip l (List.tl l).

Definition try_alloc_pair (mem : Memory) (b1 b2 : PipeBuffer F D) : op (Table F D) (nat * nat) :=
  do! t <- op_get id;
  let ff := first_free (table t) in
  do! _ <- op_assert (fun _ => (ff <=? length (slots t))%nat);
  match position two_free (windows (drop ff (slots t))) with
  | Some offset =>
      let i := (ff + offset)%nat in
      do! _ <- op_modify (fun t => set_slots t (<[S i := Some (with_index (S i) b2)]> (<[i := Some (with_index i b1)]> (slots t)))
                                     (if (ff =? i)%nat then S (S i) else ff));
      op_ret (i, S i)
  | None =>
      let a := length (slots t) in
      do! want <- op_lift (ok_or (checked_add usize_max (Z.of_nat a) 2) ENOMEM);
      do! _ <- prepare_length mem want;
      do! _ <- on_vector (push (Some (with_index a b1)));
      do! _ <- on_vector (push (Some (with_index (S a) b2)));
      do! _ <- op_modify (fun t => set_slots t (slots t) (if (ff =? a)%nat then S (S a) else ff));
      op_ret (a, S a)
  end.

Definition with_connection (token : Z) b : PipeBuffer F D :=
  let s := stream b in
  set_stream b (mkStream (stream_error_code s) (stream_error_pending s) (socket_read_shutdown s) (socket_write_shutdown s)
    token (write_sealed s) (read_error_code s) (writes_finished s)).

(** [token] is what [allocate_host_net_handle] returns, [g1] and [g2] are the
    outcomes of the two buffer reservations. *)
Definition alloc_tcp_pair (token : result Z) (g1 g2 : bool) (mem : Memory) (cap : nat) : op (Table F D) (nat * nat) :=
  do! token <- op_lift token;
  do! recv <- op_lift (try_new g1 cap);
  do! send <- op_lift (try_new g2 cap);
  try_alloc_pair mem (with_connection (as_u32 token) recv) (with_connection (as_u32 token) send).

(** ** Connections *)

Definition reset_if (token : Z) (idx : nat) t : Table F D * bool :=
  match get t idx with
  | Some b => if tcp_connection_id (stream b) =? token then (with_slot idx (reset_stream ECONNRESET) t, true) else (t, false)
  | None => (t, false)
  end.
Definition reset_tcp_connection (recv send : nat) (token : Z) t : Table F D * result unit :=
  if negb (bool_decide (checked_add usize_max (Z.of_nat recv) 1 = Some (Z.of_nat send))) || (token =? 0) then (t, Err EINVAL)
  else
    let '(t, f1) := reset_if token recv t in
    let '(t, f2) := reset_if token send t in
    (t, if f1 || f2 then Ok tt else Err ENOTCONN).

(** ** Release *)

(** One slot of [collect_unreachable_ancillary]. *)
Definition collect_slot (idx : nat) t : Table F D :=
  match get t idx with
  | Some b => if has_external_reader b then t else with_slot idx clear_ancillary t
  | None => t
  end.
Definition collect_unreachable_ancillary t : Table F D :=
  fold_left (fun t idx => collect_slot idx t) (seq 0 (length (slots t))) t.

Definition free_fully_closed_inner (idx : nat) t : Table F D :=
  match get t idx with
  | Some b =>
      if is_fully_closed b
      then let t' := set_slots t (<[idx := None]> (slots t)) (Nat.min (first_free (table t)) idx) in
           mkTab (table t') (events t' ++ [DropFds (dropped (ring b))])
      else t
  | None => t
  end.
Definition free_if_closed (idx : nat) t : Table F D := collect_unreachable_ancillary (free_fully_closed_inner idx t).

Definition discard_unclaimed (idx : nat) : op (Table F D) unit := fun t =>
  match get t idx with
  | None => Some (t, Ok tt)
  | Some b =>
      if negb (is_fifo (fifo b)) && (read_count (ends b) =? 1) && (write_count (ends b) =? 1) && negb (has_ancillary b)
      then Some (set_slots t (<[idx := None]> (slots t)) (Nat.min (first_free (table t)) idx), Ok tt)
      else None
  end.

Definition remove_fifo_name (idx : nat) t : Table F D := free_if_closed idx (with_slot idx Pipe.remove_fifo_name t).
Definition remove_fifo_name_at (idx : nat) (sec nsec : Z) t : Table F D :=
  free_if_closed idx (with_slot idx (Pipe.remove_fifo_name_at sec nsec) t).

Definition write_retained_ancillary (size : Z) (mem : Memory) (idx : nat) (data : list Z) (batch : list F)
    : op (Table F D) nat :=
  do! n <- on_slot idx (write_with_ancillary size mem data batch);
  match n with
  | None => do! _ <- op_modify (fun t => mkTab (table t) (events t ++ [DropFds batch])); op_err EBADF
  | Some n => do! _ <- op_modify collect_unreachable_ancillary; op_ret n
  end.
Definition finish_ancillary_transition : Table F D -> Table F D := collect_unreachable_ancillary.

(** ** FIFO opens *)

Definition waits (owner : Z) (o : option (PipeBuffer F D)) : bool :=
  match o with Some b => is_fifo (fifo b) && has_fifo_open_waiter b owner | None => false end.
Definition find_fifo_open t (owner : Z) : option nat := position (waits owner) (slots t).

Definition take_ready_fifo_open (owner : Z) t : Table F D * option (nat * FifoOpenWaiter D) :=
  match find_fifo_open t owner with
  | None => (t, None)
  | Some idx =>
      match get t idx with
      | None => (t, None)
      | Some b =>
          let '(p, w) := Pipe.take_ready_fifo_open owner (mkCtx b (events t)) in
          (mkTab (table (put t idx (pipe p))) (log p), match w with Some w => Some (idx, w) | None => None end)
      end
  end.

Definition cancel_fifo_open (owner : Z) t : Table F D * option (FifoOpenWaiter D) :=
  match find_fifo_open t owner with
  | None => (t, None)
  | Some idx =>
      match get t idx with
      | None => (t, None)
      | Some b =>
          let '(p, w) := Pipe.cancel_fifo_open owner (mkCtx b (events t)) in
          let t := mkTab (table (put t idx (pipe p))) (log p) in
          (match w with Some _ => free_if_closed idx t | None => t end, w)
      end
  end.

Definition cancel_slot (pid : Z) (idx : nat) (acc : Table F D * list (FifoOpenWaiter D)) : Table F D * list (FifoOpenWaiter D) :=
  let '(t, ws) := acc in
  let '(t, ws) :=
    match get t idx with
    | Some b =>
        if is_fifo (fifo b)
        then let '(p, new) := Pipe.cancel_fifo_opens_for_process pid (mkCtx b (events t)) in
             (mkTab (table (put t idx (pipe p))) (log p), ws ++ new)
        else (t, ws)
    | None => (t, ws)
    end in
  (free_if_closed idx t, ws).
Definition cancel_fifo_opens_for_process (pid : Z) t : Table F D * list (FifoOpenWaiter D) :=
  fold_left (fun acc idx => cancel_slot pid idx acc) (seq 0 (length (slots t))) (t, []).
End Methods.

(** ** Invariant *)

Section Invariant.
Context {F D : Type}.
Variable slot_size : Z.
Implicit Types (t : Table F D) (b : PipeBuffer F D).

Definition taken_slot (o : option (option (PipeBuffer F D))) : Prop := exists b, o = Some (Some b).

Record table_ok t : Prop := {
  tk_vector : buf_ok (pipes (table t));
  tk_width : lenZ (slots t) <= u32_max;
  tk_free : (first_free (table t) <= length (slots t))%nat;
  tk_filled : forall i, (i < first_free (table t))%nat -> taken_slot (slots t !! i);
  tk_pipe : forall i b, slots t !! i = Some (Some b) -> pipe_idx b = Z.of_nat i /\ pipe_ok b }.

(** The slots and the rest are as before; only the vector may have grown. *)
Definition same_slots t t' : Prop :=
  slots t' = slots t /\ first_free (table t') = first_free (table t) /\ events t' = events t.

Lemma same_slots_ok t t' : same_slots t t' -> buf_ok (pipes (table t')) -> table_ok t -> table_ok t'.
Proof. intros (H1 & H2 & _) Hb []. split; rewrite ?H1, ?H2; done. Qed.

Lemma reserve_vector mem want t : table_ok t ->
  exists t' r, on_vector (reserve_with slot_size mem want) t = Some (t', r) /\ same_slots t t' /\ table_ok t'
    /\ (r = Ok tt -> want <= IoBuffer.capacity (pipes (table t')))
    /\ forall e, r = Err e -> t' = t /\ (e = ENOMEM \/ e = EIO).
Proof.
  intros Hok. unfold on_vector. destruct (reserve_with_spec slot_size mem want (pipes (table t))) as (v & r & -> & Hv & Hc & Hw & He).
  eexists _, r. split; [done|]. assert (same_slots t (mkTab (mkTable v (first_free (table t))) (events t))) as Hs.
  { by split_and!. }
  split; [done|]. split; [|split; [done|]].
  - eapply same_slots_ok; [done| |done]. pose proof (tk_vector _ Hok) as Hb. unfold buf_ok, IoBuffer.len in *. simpl. rewrite Hv. lia.
  - intros e H. destruct (He e H) as [-> ?]. by destruct t as [[] ?].
Qed.

Lemma prepare_length_spec mem n t : table_ok t ->
  exists t' r, prepare_length slot_size mem n t = Some (t', r) /\ same_slots t t' /\ table_ok t'
    /\ (r = Ok tt -> n <= IoBuffer.capacity (pipes (table t')) /\ n <= u32_max)
    /\ forall e, r = Err e -> t' = t /\ (e = ENOMEM \/ e = EIO).
Proof.
  intros Hok. unfold prepare_length. destruct (Z.ltb_spec u32_max n).
  { exists t, (Err ENOMEM). split; [done|]. split; [done|]. split; [done|]. split; [done|]. intros e [= <-]. auto. }
  unfold op_get. cbn [op_bind]. destruct (Z.ltb_spec (IoBuffer.capacity (pipes (table t))) n).
  - set (want := Z.max _ _). destruct (reserve_vector mem want t Hok) as (t' & r & -> & Hs & Ht & Hw & He).
    exists t', r. split_and!; try done. intros Hr. specialize (Hw Hr). lia.
  - exists t, (Ok tt). split; [done|]. split; [done|]. split; [done|]. split; [lia|done].
Qed.

(** The lowest free index: below it every slot is taken. *)
Definition lowest t (i : nat) : Prop :=
  (forall j, (j < i)%nat -> taken_slot (slots t !! j)) /\ (slots t !! i = Some None \/ i = length (slots t)).

Lemma taken_of_not_none t i : (i < length (slots t))%nat -> (forall o, slots t !! i = Some o -> is_none o = false) ->
  taken_slot (slots t !! i).
Proof.
  intros Hi Hn. destruct (slots t !! i) as [o|] eqn:E; [|apply lookup_ge_None in E; lia].
  specialize (Hn _ eq_refl). destruct o as [b|]; [by exists b|done].
Qed.

Lemma prepare_slot_spec mem t : table_ok t ->
  exists t' r, prepare_slot slot_size mem t = Some (t', r) /\ same_slots t t' /\ table_ok t'
    /\ match r with
       | Ok i => lowest t i /\ (i = length (slots t) -> Z.of_nat i < IoBuffer.capacity (pipes (table t')) /\ Z.of_nat i < u32_max)
       | Err e => t' = t /\ (e = ENOMEM \/ e = EIO) /\ lowest t (length (slots t))
       end.
Proof.
  intros Hok. unfold prepare_slot, op_get, id, op_assert. cbn [op_bind]. unfold op_bind at 1.
  rewrite (proj2 (Nat.leb_le _ _) (tk_free _ Hok)). set (ff := first_free (table t)).
  destruct (position is_none (drop ff (slots t))) as [offset|] eqn:Ep.
  - apply position_first in Ep as [(o & Ho & Hn) Hl]. rewrite lookup_drop in Ho. destruct o; [done|].
    exists t, (Ok (ff + offset)%nat). split; [done|]. split; [done|]. split; [done|]. apply lookup_lt_Some in Ho as Hlt.
    split; [split; [|by left]|lia]. intros j Hj. destruct (decide (j < ff)%nat); [by apply (tk_filled _ Hok)|].
    apply taken_of_not_none; [lia|]. intros o' Ho'. apply (Hl (j - ff)%nat); [lia|]. rewrite lookup_drop. rewrite <- Ho'. f_equal. lia.
  - assert (lowest t (length (slots t))) as Hlow.
    { split; [|by right]. intros j Hj. destruct (decide (j < ff)%nat); [by apply (tk_filled _ Hok)|].
      apply taken_of_not_none; [lia|]. intros o Ho. rewrite position_None in Ep. apply Ep.
      apply list_elem_of_In, (list_elem_of_lookup_2 _ (j - ff)%nat). rewrite lookup_drop, <- Ho. f_equal. lia. }
    rewrite bind_ok_or. destruct (checked_add_cases usize_max (Z.of_nat (length (slots t))) 1) as [[-> Hw]|[-> _]].
    + destruct (prepare_length_spec mem (Z.of_nat (length (slots t)) + 1) t Hok) as (t' & r & E & Hs & Ht & Hr & He).
      destruct r as [[]|e].
      * rewrite (bind_ok _ _ _ _ _ E). eexists t', _. split; [done|]. split; [done|]. split; [done|]. split; [done|].
        intros _. specialize (Hr eq_refl). lia.
      * rewrite (bind_err _ _ _ _ _ E). eexists t', _. split; [done|]. split; [done|]. split; [done|].
        destruct (He e eq_refl). by split_and!.
    + exists t, (Err ENOMEM). split; [done|]. split; [done|]. split; [done|]. auto.
Qed.

(** [b] is published at [i], everything else is kept. *)
Definition published t (i : nat) b t' : Prop :=
  (forall j, slots t' !! j = if decide (j = i) then Some (Some (with_index i b)) else slots t !! j)
  /\ length (slots t') = Nat.max (length (slots t)) (S i) /\ events t' = events t.

Lemma published_ok t i b t' ff : table_ok t -> pipe_ok b -> published t i b t' -> buf_ok (pipes (table t')) ->
  Z.of_nat i < u32_max -> (i <= length (slots t))%nat -> first_free (table t') = ff ->
  (forall j, (j < ff)%nat -> j = i \/ taken_slot (slots t !! j)) -> table_ok t'.
Proof.
  intros Hok Hb (Hs & Hl & _) Hv Hi Hle Hff Hf. pose proof (tk_width _ Hok).
  assert (forall j, (j < ff)%nat -> taken_slot (slots t' !! j)) as Ht.
  { intros j Hj. rewrite Hs. case_decide; [by eexists|]. destruct (Hf j Hj); [done|done]. }
  split; [done|lia| | |].
  - rewrite Hff. destruct (decide (ff = 0)%nat); [lia|]. destruct (Ht (ff - 1)%nat) as [b' E]; [lia|]. apply lookup_lt_Some in E. lia.
  - by rewrite Hff.
  - intros j b' E. rewrite Hs in E. case_decide; [|by apply (tk_pipe _ Hok)]. simplify_eq. split; [done|].
    by apply (pipe_ok_core b).
Qed.

Lemma insert_published t i b ff : slots t !! i = Some None ->
  published t i b (set_slots t (<[i := Some (with_index i b)]> (slots t)) ff).
Proof.
  intros E. apply lookup_lt_Some in E. split_and!; [|unfold slots; simpl; rewrite length_insert; fold (slots t); lia|done].
  intros j. unfold slots. simpl. fold (slots t). case_decide as Hj; [subst; by rewrite list_lookup_insert_eq|].
  by rewrite list_lookup_insert_ne.
Qed.

Lemma push_published t b ff : IoBuffer.len (pipes (table t)) < IoBuffer.capacity (pipes (table t)) ->
  let i := length (slots t) in
  exists t', on_vector (push (Some (with_index i b))) t = Some (t', Ok tt) /\ first_free (table t') = first_free (table t)
    /\ published t i b (set_slots t' (slots t') ff) /\ buf_ok (pipes (table t'))
    /\ IoBuffer.capacity (pipes (table t')) = IoBuffer.capacity (pipes (table t))
    /\ slots t' = slots t ++ [Some (with_index i b)] /\ events t' = events t.
Proof.
  intros Hlt i. unfold on_vector. destruct (push_spec (Some (with_index i b)) (pipes (table t)) Hlt) as [-> Hb].
  eexists. split; [done|]. split; [done|]. split; [|by split_and!]. split_and!; [| |done].
  - intros j. unfold slots. simpl. fold (slots t). case_decide as Hj.
    + subst j. unfold i. by rewrite lookup_app_r, Nat.sub_diag by lia.
    + destruct (decide (j < length (slots t))%nat); [by rewrite lookup_app_l|].
      rewrite !lookup_ge_None_2; [done|..]; [|rewrite length_app; simpl]; unfold i in Hj; lia.
  - unfold slots. simpl. rewrite length_app. fold (slots t). simpl. lia.
Qed.

(** A slot that may be published: free, or the next one of the vector. *)
Definition vacant t (i : nat) : Prop := slots t !! i = Some None \/ i = length (slots t).

Lemma publish_spec t i b : table_ok t -> pipe_ok b -> vacant t i -> Z.of_nat i < u32_max ->
  (i = length (slots t) -> Z.of_nat i < IoBuffer.capacity (pipes (table t))) ->
  exists t', publish_prepared i b t = Some (t', Ok tt) /\ published t i b t' /\ table_ok t'
    /\ IoBuffer.capacity (pipes (table t')) = IoBuffer.capacity (pipes (table t)).
Proof.
  intros Hok Hb Hi Hw Hc. unfold publish_prepared. unfold op_bind at 1, op_assert.
  rewrite (proj2 (Z.leb_le _ _)) by lia. unfold op_get, id. cbn [op_bind].
  set (ff := if (first_free (table t) =? i)%nat then S i else first_free (table t)).
  assert (forall j, (j < ff)%nat -> j = i \/ taken_slot (slots t !! j)) as Hff.
  { intros j Hj. unfold ff in Hj. destruct (Nat.eqb_spec (first_free (table t)) i); [|right; by apply (tk_filled _ Hok)].
    destruct (decide (j = i)); [by left|right]. apply (tk_filled _ Hok). lia. }
  destruct (Nat.eqb_spec i (length (slots t))) as [El|Hne].
  - destruct (push_published t b ff) as (t1 & E & _ & Hp & Hv & Hcap & _); [unfold IoBuffer.len; fold (slots t); lia|].
    rewrite <- El in E, Hp. rewrite (bind_ok _ _ _ _ _ E). eexists. split; [reflexivity|]. split; [exact Hp|]. split; [|exact Hcap].
    eapply (published_ok t i b _ ff); try done. lia.
  - destruct Hi as [Hi|]; [|done]. rewrite Hi. eexists. split; [reflexivity|].
    pose proof (insert_published t i b ff Hi) as Hp. split; [exact Hp|]. split; [|done]. apply lookup_lt_Some in Hi as Hlt.
    eapply (published_ok t i b _ ff); try done; [|lia]. pose proof (tk_vector _ Hok) as Hv. unfold buf_ok, IoBuffer.len in *.
    simpl. rewrite length_insert. exact Hv.
Qed.

Lemma published_same t1 t2 i b t' : same_slots t1 t2 -> published t2 i b t' -> published t1 i b t'.
Proof. intros (H1 & _ & H3) (P1 & P2 & P3). unfold published. rewrite <- H1, <- H3. done. Qed.

Lemma lowest_same t1 t2 i : same_slots t1 t2 -> lowest t1 i -> lowest t2 i.
Proof. intros (H1 & _ & _). unfold lowest. by rewrite H1. Qed.

Lemma lowest_width t i : table_ok t -> lowest t i -> i <> length (slots t) -> Z.of_nat i < u32_max.
Proof. intros Hok [_ [H|]] Hne; [|done]. apply lookup_lt_Some in H. pose proof (tk_width _ Hok). lia. Qed.

Lemma try_alloc_spec mem b t : table_ok t -> pipe_ok b ->
  exists t' r, try_alloc slot_size mem b t = Some (t', r) /\ table_ok t'
    /\ match r with
       | Ok i => lowest t i /\ published t i b t'
       | Err e => t' = t /\ (e = ENOMEM \/ e = EIO) /\ lowest t (length (slots t))
       end.
Proof.
  intros Hok Hb. unfold try_alloc. destruct (prepare_slot_spec mem t Hok) as (t1 & [i|e] & E & Hs & H1 & H).
  - rewrite (bind_ok _ _ _ _ _ E). destruct H as [Hl Hi]. pose proof (lowest_same _ _ _ Hs Hl) as Hl1.
    assert (Z.of_nat i < u32_max) as Hw.
    { destruct (decide (i = length (slots t))) as [Ei|Hne]; [destruct (Hi Ei) as [_ ?]; done|by apply (lowest_width t)]. }
    destruct (publish_spec t1 i b H1 Hb (proj2 Hl1) Hw) as (t2 & E2 & Hp & H2 & _).
    { intros Ei. apply Hi. destruct Hs as (Hs & _). by rewrite <- Hs. }
    rewrite (bind_ok _ _ _ _ _ E2). eexists t2, _. split; [done|]. split; [done|]. split; [done|]. by eapply published_same.
  - rewrite (bind_err _ _ _ _ _ E). eexists t1, _. split; [done|]. split; [done|]. done.
Qed.

(** *** Pairs *)

Lemma windows_lookup {A} (l : list A) i x y : windows l !! i = Some (x, y) <-> l !! i = Some x /\ l !! S i = Some y.
Proof.
  unfold windows. rewrite lookup_zip_with_Some. setoid_rewrite (lookup_tail l). split; [naive_solver|].
  intros [??]. by exists x, y.
Qed.

(** Two adjacent slots that were free, or past the end. *)
Definition paired t (i : nat) b1 b2 t' : Prop :=
  (slots t !! i = Some None /\ slots t !! S i = Some None \/ i = length (slots t))
  /\ (forall j, slots t' !! j = if decide (j = i) then Some (Some (with_index i b1))
                 else if decide (j = S i) then Some (Some (with_index (S i) b2)) else slots t !! j)
  /\ length (slots t') = Nat.max (length (slots t)) (S (S i)) /\ events t' = events t.

Lemma two_published t t1 i b1 b2 t' : published t i b1 t1 -> published t1 (S i) b2 t' ->
  (slots t !! i = Some None /\ slots t !! S i = Some None \/ i = length (slots t)) -> paired t i b1 b2 t'.
Proof.
  intros (P1 & L1 & E1) (P2 & L2 & E2) Hi. split; [done|]. rewrite L2, L1, E2, E1. split; [|split; [lia|done]].
  intros j. rewrite P2, P1. repeat case_decide; first [lia|done].
Qed.

Lemma set_buf_ok t l ff : length l = length (slots t) -> buf_ok (pipes (table t)) ->
  buf_ok (pipes (table (set_slots t l ff))).
Proof. unfold buf_ok, IoBuffer.len, slots. simpl. intros ->. done. Qed.

Lemma reuse_pair t i b1 b2 : table_ok t -> pipe_ok b1 -> pipe_ok b2 ->
  slots t !! i = Some None -> slots t !! S i = Some None -> let ff := first_free (table t) in
  let t' := set_slots t (<[S i := Some (with_index (S i) b2)]> (<[i := Some (with_index i b1)]> (slots t)))
              (if (ff =? i)%nat then S (S i) else ff) in
  paired t i b1 b2 t' /\ table_ok t'.
Proof.
  intros Hok H1 H2 E1 E2 ff t'. pose proof (tk_width _ Hok). apply lookup_lt_Some in E1 as L1, E2 as L2.
  set (t1 := set_slots t (<[i := Some (with_index i b1)]> (slots t)) ff).
  pose proof (insert_published t i b1 ff E1) as P1. fold t1 in P1.
  assert (table_ok t1) as K1.
  { eapply (published_ok t i b1 t1 ff); try done; [|lia..|].
    - apply set_buf_ok; [apply length_insert|apply Hok].
    - intros j Hj. right. by apply (tk_filled _ Hok). }
  assert (slots t1 !! S i = Some None) as E2' by (destruct P1 as [-> _]; by rewrite decide_False by lia).
  pose proof (insert_published t1 (S i) b2 (if (ff =? i)%nat then S (S i) else ff) E2') as P2.
  split; [eapply two_published; [exact P1|exact P2|by left]|].
  eapply (published_ok t1 (S i) b2); [done|done|exact P2| |lia| |reflexivity|].
  - apply (set_buf_ok t1); [apply length_insert|apply K1].
  - destruct P1 as (_ & -> & _). lia.
  - intros j Hj. change (first_free (table _)) with (if (ff =? i)%nat then S (S i) else ff) in Hj.
    destruct (Nat.eqb_spec ff i) as [E|]; [|right; by apply (tk_filled _ K1)].
    destruct (decide (j = S i)); [by left|]. right. destruct P1 as [-> _]. case_decide; [by eexists|].
    apply (tk_filled _ Hok). fold ff. lia.
Qed.

Lemma append_pair t b1 b2 : table_ok t -> pipe_ok b1 -> pipe_ok b2 -> let a := length (slots t) in
  Z.of_nat a + 2 <= IoBuffer.capacity (pipes (table t)) -> Z.of_nat a + 2 <= u32_max ->
  let ff := first_free (table t) in
  exists t1 t2, on_vector (push (Some (with_index a b1))) t = Some (t1, Ok tt)
    /\ on_vector (push (Some (with_index (S a) b2))) t1 = Some (t2, Ok tt)
    /\ let t' := set_slots t2 (slots t2) (if (ff =? a)%nat then S (S a) else ff) in
       paired t a b1 b2 t' /\ table_ok t'.
Proof.
  intros Hok H1 H2 a Hc Hw ff.
  destruct (push_published t b1 ff) as (t1 & E1 & F1 & P1 & V1 & C1 & S1 & _); [unfold IoBuffer.len; fold (slots t); fold a; lia|].
  fold a in E1, P1. exists t1. assert (length (slots t1) = S a) as L1 by (rewrite S1, length_app; simpl; lia).
  assert (set_slots t1 (slots t1) ff = t1) as Eq by (unfold ff; rewrite <- F1; by destruct t1 as [[[] ?] ?]).
  rewrite Eq in P1.
  assert (table_ok t1) as K1.
  { eapply (published_ok t a b1 t1 ff); try done; [lia|]. intros j Hj. right. by apply (tk_filled _ Hok). }
  destruct (push_published t1 b2 (if (ff =? a)%nat then S (S a) else ff)) as (t2 & E2 & F2 & P2 & V2 & _).
  { unfold IoBuffer.len. fold (slots t1). rewrite L1, C1. lia. }
  rewrite L1 in E2, P2. exists t2. split; [done|]. split; [done|]. intros t'.
  split; [eapply two_published; [exact P1|exact P2|by right]|].
  eapply (published_ok t1 (S a) b2); [done|done|exact P2|exact V2|lia|lia|reflexivity|].
  intros j Hj. change (first_free (table t')) with (if (ff =? a)%nat then S (S a) else ff) in Hj.
  destruct (Nat.eqb_spec ff a) as [E|]; [|right; apply (tk_filled _ K1); by rewrite F1].
  destruct (decide (j = S a)); [by left|]. right. destruct P1 as [-> _]. case_decide; [by eexists|].
  apply (tk_filled _ Hok). fold ff. lia.
Qed.

Lemma try_alloc_pair_spec mem b1 b2 t : table_ok t -> pipe_ok b1 -> pipe_ok b2 ->
  exists t' r, try_alloc_pair slot_size mem b1 b2 t = Some (t', r) /\ table_ok t'
    /\ match r with
       | Ok (i, j) => j = S i /\ paired t i b1 b2 t'
           /\ forall k, slots t !! k = Some None -> slots t !! S k = Some None -> (i <= k)%nat
       | Err e => t' = t /\ (e = ENOMEM \/ e = EIO)
       end.
Proof.
  intros Hok H1 H2. unfold try_alloc_pair, op_get, id, op_assert. cbn [op_bind]. unfold op_bind at 1.
  rewrite (proj2 (Nat.leb_le _ _) (tk_free _ Hok)). set (ff := first_free (table t)).
  assert (forall k, slots t !! k = Some None -> (ff <= k)%nat) as Hff.
  { intros k Hk. destruct (decide (ff <= k)%nat); [done|]. destruct (tk_filled _ Hok k) as [b E]; [fold ff; lia|congruence]. }
  destruct (position two_free _) as [offset|] eqn:Ep.
  - apply position_first in Ep as [([o1 o2] & Ho & Hn) Hl]. apply windows_lookup in Ho as [Ho1 Ho2].
    rewrite lookup_drop in Ho1, Ho2. apply andb_true_iff in Hn as [N1 N2]. destruct o1, o2; try done.
    replace (ff + S offset)%nat with (S (ff + offset)) in Ho2 by lia.
    destruct (reuse_pair t (ff + offset) b1 b2 Hok H1 H2 Ho1 Ho2) as [Hp Ht].
    eexists _, _. split; [reflexivity|]. split; [exact Ht|]. split; [done|]. split; [exact Hp|].
    intros k Hk1 Hk2. destruct (decide (k < ff + offset)%nat) as [Hlt|]; [|lia]. pose proof (Hff k Hk1).
    assert (@two_free F D (None, None) = false) as [=]. apply (Hl (k - ff)%nat); [lia|].
    apply windows_lookup. rewrite !lookup_drop. split; [rewrite <- Hk1|rewrite <- Hk2]; f_equal; lia.
  - assert (forall k, slots t !! k = Some None -> slots t !! S k = Some None -> False) as Hno.
    { intros k Hk1 Hk2. pose proof (Hff k Hk1). rewrite position_None in Ep.
      assert (@two_free F D (None, None) = false) as [=]. apply Ep. apply list_elem_of_In, (list_elem_of_lookup_2 _ (k - ff)%nat).
      apply windows_lookup. rewrite !lookup_drop. split; [rewrite <- Hk1|rewrite <- Hk2]; f_equal; lia. }
    set (a := length (slots t)). rewrite bind_ok_or.
    destruct (checked_add_cases usize_max (Z.of_nat a) 2) as [[-> Hw]|[-> _]]; [|exists t, (Err ENOMEM); auto].
    destruct (prepare_length_spec mem (Z.of_nat a + 2) t Hok) as (t1 & r & E & Hs & Ht & Hr & He).
    destruct r as [[]|e]; [|rewrite (bind_err _ _ _ _ _ E); eexists t1, _; split; [done|]; split; [done|]; by apply He].
    rewrite (bind_ok _ _ _ _ _ E). destruct (Hr eq_refl) as [Hc Hm]. destruct Hs as (S1 & S2 & S3).
    destruct (append_pair t1 b1 b2 Ht H1 H2) as (t2 & t3 & E2 & E3 & Hp & K3); rewrite ?S1; [done..|].
    rewrite S1 in E2, E3, Hp, K3. fold a in E2, E3, Hp, K3. rewrite S2 in Hp, K3. fold ff in Hp, K3.
    rewrite (bind_ok _ _ _ _ _ E2), (bind_ok _ _ _ _ _ E3). eexists _, _. split; [reflexivity|]. split; [exact K3|].
    split; [done|]. split; [|intros k Hk1 Hk2; destruct (Hno k Hk1 Hk2)].
    destruct Hp as (P1 & P2 & P3 & P4). rewrite S1 in P1, P2, P3. rewrite S3 in P4. by split_and!.
Qed.

(** *** A method of one pipe *)

Lemma get_slot t i b : get t i = Some b <-> slots t !! i = Some (Some b).
Proof. unfold get. destruct (slots t !! i) as [[?|]|]; naive_solver. Qed.

Definition moved t (i : nat) (q : Pipe F D) : Table F D := mkTab (table (put t i (pipe q))) (log q).

Lemma moved_slots t i q : slots (moved t i q) = <[i := Some (pipe q)]> (slots t).
Proof. done. Qed.

Lemma moved_ok t i b q : table_ok t -> get t i = Some b -> pipe_ok (pipe q) -> pipe_idx (pipe q) = pipe_idx b ->
  table_ok (moved t i q).
Proof.
  intros Hok Hg%get_slot Hq Hi. apply lookup_lt_Some in Hg as Hlt. split.
  - apply (set_buf_ok t); [apply length_insert|apply Hok].
  - rewrite moved_slots. rewrite length_insert. apply Hok.
  - rewrite moved_slots. rewrite length_insert. apply Hok.
  - intros j Hj. rewrite moved_slots. destruct (decide (i = j)) as [<-|]; [rewrite list_lookup_insert_eq by done; by eexists|].
    rewrite list_lookup_insert_ne by done. by apply (tk_filled _ Hok).
  - intros j b' E. rewrite moved_slots in E. apply list_lookup_insert_Some in E as [(<- & [= <-] & _)|[_ E]].
    + split; [|done]. rewrite Hi. by apply (tk_pipe _ Hok).
    + by apply (tk_pipe _ Hok).
Qed.

Lemma step_moved_ok t i b q : table_ok t -> get t i = Some b -> pipe_step (mkCtx b (events t)) q -> table_ok (moved t i q).
Proof.
  intros Hok Hg Hs. assert (pipe_ok b) as Hb by (apply get_slot in Hg; by apply (tk_pipe _ Hok i)).
  destruct (step_keeps (mkCtx b (events t)) q Hb Hs) as [Hq [Hi _]]. by eapply moved_ok.
Qed.

Lemma with_slot_ok g t i : (forall p, pipe_step p (g p)) -> table_ok t -> table_ok (with_slot i g t).
Proof.
  intros Hg Hok. unfold with_slot. destruct (get t i) as [b|] eqn:E; [|done].
  apply (step_moved_ok t i b (g (mkCtx b (events t)))); auto.
Qed.

(** *** Release *)

(** What a sweep does to one pipe: the queued descriptors go once every
    reader is itself in flight. *)
Definition tidy b : PipeBuffer F D :=
  if has_external_reader b then b
  else let r := ring b in
       set_ring b (mkRing (buf r) (head r) (tail r) (len r) (stream_position r) (clear (ancillary_fds r))).

Lemma tidy_ok b : pipe_ok b -> pipe_ok (tidy b).
Proof.
  intros Hok. unfold tidy. destruct (has_external_reader b); [done|]. destruct Hok as [[] ? ? Hc ? ?].
  split; [|done|done|intros E; split; [by apply Hc|done]|done|done].
  split; try done; unfold marks; simpl; [lia|]. unfold buf_ok, IoBuffer.len in *. simpl. lia.
Qed.

(** The table after a sweep of some slots: every other field is kept. *)
Definition swept (P : nat -> bool) t t' : Prop :=
  (forall j, slots t' !! j = if P j then option_map tidy <$> slots t !! j else slots t !! j)
  /\ length (slots t') = length (slots t) /\ first_free (table t') = first_free (table t)
  /\ IoBuffer.capacity (pipes (table t')) = IoBuffer.capacity (pipes (table t)).

Lemma collect_slot_spec i t : swept (Nat.eqb i) t (collect_slot i t).
Proof.
  unfold collect_slot. destruct (get t i) as [b|] eqn:E.
  - apply get_slot in E as Es. apply lookup_lt_Some in Es as Hl. destruct (has_external_reader b) eqn:Er.
    + split_and!; try done. intros j. destruct (Nat.eqb_spec i j) as [<-|]; [|done]. rewrite Es. simpl. unfold tidy. by rewrite Er.
    + unfold with_slot. rewrite E. change (swept (Nat.eqb i) t (moved t i (clear_ancillary (mkCtx b (events t))))).
      unfold swept. rewrite moved_slots, length_insert. split_and!; try done. intros j. destruct (Nat.eqb_spec i j) as [<-|].
      * rewrite list_lookup_insert_eq, Es by done. simpl. unfold tidy. by rewrite Er.
      * by rewrite list_lookup_insert_ne.
  - split_and!; try done. intros j. destruct (Nat.eqb_spec i j) as [<-|]; [|done].
    unfold get in E. destruct (slots t !! i) as [[?|]|]; done.
Qed.

Lemma sweep_spec t : swept (fun j => true) t (collect_unreachable_ancillary t).
Proof.
  unfold collect_unreachable_ancillary.
  assert (forall n, (n <= length (slots t))%nat ->
    swept (fun j => (j <? n)%nat) t (fold_left (fun t i => collect_slot i t) (seq 0 n) t)) as H.
  { induction n as [|n IH]; intros Hn; [by split_and!|]. rewrite seq_S, fold_left_app. simpl.
    destruct IH as (H1 & H2 & H3 & H4); [lia|]. set (t1 := fold_left _ _ _) in *.
    destruct (collect_slot_spec n t1) as (G1 & G2 & G3 & G4). split_and!; [|congruence..].
    intros j. rewrite G1, H1. destruct (Nat.eqb_spec n j) as [<-|].
    - by rewrite Nat.ltb_irrefl, (proj2 (Nat.ltb_lt n (S n))) by lia.
    - destruct (Nat.ltb_spec j n), (Nat.ltb_spec j (S n)); try done; lia. }
  destruct (H (length (slots t))) as (H1 & H2 & H3 & H4); [lia|]. split_and!; try done. intros j. rewrite H1.
  destruct (Nat.ltb_spec j (length (slots t))) as [|Hl]; [done|]. by rewrite lookup_ge_None_2.
Qed.

Lemma swept_ok P t t' : table_ok t -> swept P t t' -> table_ok t'.
Proof.
  intros Hok (H1 & H2 & H3 & H4). destruct Hok as [K1 K2 K3 K4 K5]. split; rewrite ?H2, ?H3; try done.
  - unfold buf_ok, IoBuffer.len in *. fold (slots t') in *. fold (slots t) in *. by rewrite H2, H4.
  - intros j Hj. rewrite H1. destruct (K4 j Hj) as [b E]. rewrite E. destruct (P j); by eexists.
  - intros j b E. rewrite H1 in E. destruct (P j); [|by apply K5]. destruct (slots t !! j) as [[b'|]|] eqn:Es; simplify_eq/=.
    destruct (K5 _ _ Es) as [G1 G2]. split; [|by apply tidy_ok]. unfold tidy. by destruct (has_external_reader b').
Qed.

Lemma collect_ok t : table_ok t -> table_ok (collect_unreachable_ancillary t).
Proof. intros H. eapply swept_ok; [exact H|apply sweep_spec]. Qed.

(** A slot is taken out, with the index of the lowest free slot. *)
Definition vacated t (i : nat) (l : list (event F)) : Table F D :=
  mkTab (table (set_slots t (<[i := None]> (slots t)) (Nat.min (first_free (table t)) i))) l.

Lemma vacated_ok t i l : table_ok t -> table_ok (vacated t i l).
Proof.
  intros [K1 K2 K3 K4 K5]. assert (slots (vacated t i l) = <[i := None]> (slots t)) as E by done.
  assert (first_free (table (vacated t i l)) = Nat.min (first_free (table t)) i) as Ef by done.
  split; rewrite ?Ef, ?E, ?length_insert; try done; [apply (set_buf_ok t); [apply length_insert|done]|lia|..].
  - intros j Hj. rewrite list_lookup_insert_ne by lia. apply K4. lia.
  - intros j b Hj. apply list_lookup_insert_Some in Hj as [(_ & [=] & _)|[_ Hj]]. by apply K5.
Qed.

Lemma free_inner_ok i t : table_ok t -> table_ok (free_fully_closed_inner i t).
Proof.
  intros H. unfold free_fully_closed_inner. destruct (get t i) as [b|]; [|done]. destruct (is_fully_closed b); [|done].
  by apply (vacated_ok t i).
Qed.

Lemma free_if_closed_ok i t : table_ok t -> table_ok (free_if_closed i t).
Proof. intros H. by apply collect_ok, free_inner_ok. Qed.

(** The slots after [free_if_closed]. *)
Lemma free_if_closed_slots i t j :
  slots (free_if_closed i t) !! j =
    match slots t !! j with
    | Some (Some b) => if (j =? i)%nat && is_fully_closed b then Some None else Some (Some (tidy b))
    | o => o
    end.
Proof.
  unfold free_if_closed. destruct (sweep_spec (free_fully_closed_inner i t)) as (H & _). rewrite H.
  unfold free_fully_closed_inner. destruct (get t i) as [b|] eqn:E.
  - apply get_slot in E. destruct (is_fully_closed b) eqn:Ec.
    + change (slots (mkTab _ _)) with (<[i := None]> (slots t)). apply lookup_lt_Some in E as Hl.
      destruct (Nat.eqb_spec j i) as [->|]; [by rewrite list_lookup_insert_eq, E, Ec|].
      rewrite list_lookup_insert_ne by done. by destruct (slots t !! j) as [[?|]|].
    + destruct (slots t !! j) as [[b'|]|] eqn:Ej; [|done..]. destruct (Nat.eqb_spec j i) as [->|]; [|done].
      rewrite E in Ej. simplify_eq. by rewrite Ec.
  - destruct (slots t !! j) as [[b'|]|] eqn:Ej; [|done..]. destruct (Nat.eqb_spec j i) as [->|]; [|done].
    apply get_slot in Ej. congruence.
Qed.

Lemma free_get i t j b : get (free_if_closed i t) j = Some b -> exists b', get t j = Some b' /\ b = tidy b'.
Proof.
  rewrite get_slot, free_if_closed_slots. destruct (slots t !! j) as [[b'|]|] eqn:E; [|done..].
  apply get_slot in E. case_match; [done|]. intros [= <-]. eauto.
Qed.

Lemma tidy_fifo b : fifo (tidy b) = fifo b.
Proof. unfold tidy. by destruct (has_external_reader b). Qed.

Lemma free_length i t : length (slots (free_if_closed i t)) = length (slots t).
Proof.
  unfold free_if_closed. destruct (sweep_spec (free_fully_closed_inner i t)) as (_ & -> & _).
  unfold free_fully_closed_inner. destruct (get t i) as [b|]; [|done]. destruct (is_fully_closed b); [|done]. apply length_insert.
Qed.

(** *** Cancelling the opens of a process *)

Definition waiting_opens b : gmap Z (FifoOpenWaiter D) := fifo_open_waiters (fifo b).
Definition owner_keys t : Prop :=
  forall j b k w, get t j = Some b -> waiting_opens b !! k = Some w -> 0 <= k < 2 ^ 64.

(** [b'] is [b] with the opens of [pid] cancelled, when [b] is a FIFO. *)
Definition opens_cancelled (pid : Z) b b' : Prop :=
  if is_fifo (fifo b) then forall k, waiting_opens b' !! k = if owner_pid k =? pid then None else waiting_opens b !! k
  else fifo b' = fifo b.
(** Waiter [w] belongs to an open of [pid] in slot [j]. *)
Definition opener t (pid : Z) (j : nat) (w : FifoOpenWaiter D) : Prop :=
  exists b k, get t j = Some b /\ is_fifo (fifo b) = true /\ waiting_opens b !! k = Some w /\ owner_pid k = pid.

Lemma cancel_process_members (p : Pipe F D) pid :
  (forall k w, waiters p !! k = Some w -> 0 <= k < 2 ^ 64) ->
  exists q ws, Pipe.cancel_fifo_opens_for_process pid p = (q, ws)
    /\ (forall w, In w ws <-> exists k, waiters p !! k = Some w /\ owner_pid k = pid)
    /\ forall k, waiters q !! k = if owner_pid k =? pid then None else waiters p !! k.
Proof.
  intros Hk. destruct (cancel_process_spec p pid Hk) as (q & ws & E & Hw & Hq). exists q, ws. split; [done|]. split; [|done].
  intros w. rewrite <- list_elem_of_In. split.
  - intros (i & Hi)%list_elem_of_lookup. destruct (Forall2_lookup_r _ _ _ _ _ Hw Hi) as (k & Hl & Hkw).
    exists k. split; [done|]. apply list_elem_of_lookup_2, list_elem_of_In, List.filter_In in Hl as [_ Hl]. by apply Z.eqb_eq.
  - intros (k & Hl & Hp). assert (k ∈ List.filter (fun k => owner_pid k =? pid) (owners (pipe p))) as Hin.
    { apply list_elem_of_In, List.filter_In. split; [|by apply Z.eqb_eq]. apply list_elem_of_In, owners_lookup. eauto. }
    apply list_elem_of_lookup in Hin as [i Hi]. destruct (Forall2_lookup_l _ _ _ _ _ Hw Hi) as (w' & Hw' & E').
    rewrite E' in Hl. simplify_eq. by eapply list_elem_of_lookup_2.
Qed.

Definition the_fifo t (j : nat) : option (Fifo D) := fifo <$> get t j.

Lemma free_other i t j : j <> i -> the_fifo (free_if_closed i t) j = the_fifo t j.
Proof.
  intros Hj. unfold the_fifo, get. rewrite free_if_closed_slots, (proj2 (Nat.eqb_neq j i)) by done. simpl.
  destruct (slots t !! j) as [[b|]|]; [simpl; by rewrite tidy_fifo|done..].
Qed.

Lemma moved_other t n q j : j <> n -> the_fifo (moved t n q) j = the_fifo t j.
Proof. intros H. unfold the_fifo, get. by rewrite moved_slots, list_lookup_insert_ne. Qed.

Lemma cancel_slot_spec pid n t ws : owner_keys t ->
  exists t' ws', cancel_slot pid n (t, ws) = (t', ws') /\ length (slots t') = length (slots t)
    /\ (forall j, j <> n -> the_fifo t' j = the_fifo t j)
    /\ (forall b', get t' n = Some b' -> exists b, get t n = Some b /\ opens_cancelled pid b b')
    /\ forall w, In w ws' <-> In w ws \/ opener t pid n w.
Proof.
  intros Hk. unfold cancel_slot. destruct (get t n) as [b|] eqn:E.
  - destruct (is_fifo (fifo b)) eqn:Ef.
    + destruct (cancel_process_members (mkCtx b (events t)) pid) as (q & new & Eq & Hm & Hq); [intros k w; by apply (Hk n)|].
      rewrite Eq. eexists _, _. split; [done|]. change (mkTab _ (log q)) with (moved t n q).
      split; [rewrite free_length; apply length_insert|]. split; [intros j Hj; by rewrite free_other, moved_other|]. split.
      * intros b' (b1 & Hb1 & ->)%free_get. exists b. split; [done|]. unfold opens_cancelled. rewrite Ef. intros k.
        apply get_slot in Hb1. rewrite moved_slots in Hb1. rewrite list_lookup_insert_eq in Hb1
          by (apply get_slot, lookup_lt_Some in E; done). simplify_eq.
        unfold waiting_opens. rewrite tidy_fifo. apply Hq.
      * intros w. rewrite in_app_iff, Hm. unfold opener. rewrite E. unfold waiters, waiting_opens. simpl. split.
        -- intros [?|(k & ? & ?)]; [by left|right]. exists b, k. done.
        -- intros [?|(b' & k & [= <-] & _ & ? & ?)]; [by left|right]. by exists k.
    + eexists _, _. split; [done|]. split; [apply free_length|]. split; [intros j Hj; by rewrite free_other|]. split.
      * intros b' (b1 & Hb1 & ->)%free_get. exists b1. split; [congruence|]. unfold opens_cancelled.
        rewrite E in Hb1. simplify_eq. rewrite Ef. apply tidy_fifo.
      * intros w. split; [by left|]. intros [?|(b' & k & Hb' & Hf & _)]; [done|]. congruence.
  - eexists _, _. split; [done|]. split; [apply free_length|]. split; [intros j Hj; by rewrite free_other|]. split.
    + intros b' (b1 & Hb1 & ->)%free_get. congruence.
    + intros w. split; [by left|]. intros [?|(b' & k & Hb' & _)]; [done|]. congruence.
Qed.

Lemma the_fifo_get t t' j b : the_fifo t' j = the_fifo t j -> get t' j = Some b -> exists b0, get t j = Some b0 /\ fifo b0 = fifo b.
Proof. unfold the_fifo. intros H E. rewrite E in H. destruct (get t j) as [b0|]; simplify_eq/=. eauto. Qed.

Lemma opener_same t t' pid j w : the_fifo t' j = the_fifo t j -> opener t' pid j w <-> opener t pid j w.
Proof.
  intros H. unfold opener, waiting_opens. split; intros (b & k & Hb & Hf & Hw & Hp).
  - destruct (the_fifo_get _ _ _ _ H Hb) as (b0 & Hb0 & Ef). exists b0, k. rewrite Ef. done.
  - symmetry in H. destruct (the_fifo_get _ _ _ _ H Hb) as (b0 & Hb0 & Ef). exists b0, k. rewrite Ef. done.
Qed.

Lemma cancel_loop_spec pid t n : owner_keys t -> (n <= length (slots t))%nat ->
  exists t' ws, fold_left (fun acc idx => cancel_slot pid idx acc) (seq 0 n) (t, []) = (t', ws)
    /\ length (slots t') = length (slots t)
    /\ (forall j, (n <= j)%nat -> the_fifo t' j = the_fifo t j)
    /\ (forall j b', (j < n)%nat -> get t' j = Some b' -> exists b, get t j = Some b /\ opens_cancelled pid b b')
    /\ forall w, In w ws <-> exists j, (j < n)%nat /\ opener t pid j w.
Proof.
  intros Hk. induction n as [|n IH]; intros Hn.
  { exists t, []. split_and!; try done; [lia|]. intros w. split; [done|]. intros (j & ? & _). lia. }
  destruct IH as (t1 & ws & E & L & Hge & Hlt & Hw); [lia|]. rewrite seq_S, fold_left_app, E. cbn [fold_left Nat.add].
  assert (owner_keys t1) as Hk1.
  { intros j b k w Hb Hkw. unfold waiting_opens in Hkw. destruct (decide (j < n)%nat) as [Hj|Hj].
    - destruct (Hlt j b Hj Hb) as (b0 & Hb0 & Hc). unfold opens_cancelled in Hc. destruct (is_fifo (fifo b0)).
      + unfold waiting_opens in Hc. rewrite Hc in Hkw. case_match; [done|]. by eapply (Hk j b0).
      + rewrite Hc in Hkw. by eapply (Hk j b0).
    - destruct (the_fifo_get _ _ _ _ (Hge j ltac:(lia)) Hb) as (b0 & Hb0 & Ef). rewrite <- Ef in Hkw. by eapply (Hk j b0). }
  destruct (cancel_slot_spec pid n t1 ws Hk1) as (t2 & ws2 & -> & L2 & Ho & Hs & Hw2).
  exists t2, ws2. split; [done|]. split; [congruence|]. split; [|split].
  - intros j Hj. rewrite Ho by lia. apply Hge. lia.
  - intros j b' Hj Hb'. destruct (decide (j = n)) as [->|Hne].
    + destruct (Hs b' Hb') as (b1 & Hb1 & Hc). destruct (the_fifo_get _ _ _ _ (Hge n ltac:(lia)) Hb1) as (b0 & Hb0 & Ef).
      exists b0. split; [done|]. unfold opens_cancelled, waiting_opens in *. by rewrite Ef.
    + destruct (the_fifo_get _ _ _ _ (Ho j Hne) Hb') as (b1 & Hb1 & Ef).
      destruct (Hlt j b1 ltac:(lia) Hb1) as (b0 & Hb0 & Hc). exists b0. split; [done|].
      unfold opens_cancelled, waiting_opens in *. by rewrite <- Ef.
  - intros w. rewrite Hw2, Hw, (opener_same _ _ _ _ _ (Hge n ltac:(lia))). split.
    + intros [(j & ? & ?)|?]; [exists j|exists n]; split; (lia || done).
    + intros (j & Hj & Hop). destruct (decide (j = n)) as [->|]; [by right|left]. exists j. split; [lia|done].
Qed.

(** *** Several slots at once *)

Lemma free_from_spec ff (l : list (option (PipeBuffer F D))) :
  NoDup (free_from ff l) /\ Forall (fun i => l !! i = Some None) (free_from ff l).
Proof.
  unfold free_from. split.
  - apply NoDup_fmap_2; [intros ??; lia|]. apply NoDup_ListNoDup, List.NoDup_filter, NoDup_ListNoDup, NoDup_seq.
  - apply Forall_forall. intros i (k & -> & Hk)%list_elem_of_fmap. apply list_elem_of_In, List.filter_In in Hk as [_ Hk].
    rewrite lookup_drop in Hk. destruct (l !! (ff + k)%nat) as [[?|]|]; done.
Qed.

(** The indices that [prepare_slots] returns: free ones, then the next ones of the vector. *)
Definition ready_slots t (l : list nat) : Prop :=
  exists reused n, l = reused ++ seq (length (slots t)) n /\ NoDup reused /\ Forall (fun i => slots t !! i = Some None) reused
    /\ Z.of_nat (length (slots t) + n) <= IoBuffer.capacity (pipes (table t)) /\ Z.of_nat (length (slots t) + n) <= u32_max.

Lemma prepare_slots_spec imem mem count t : table_ok t ->
  exists t' r, prepare_slots slot_size imem mem count t = Some (t', r) /\ same_slots t t' /\ table_ok t'
    /\ match r with Ok l => length l = count /\ ready_slots t' l | Err e => t' = t /\ (e = ENOMEM \/ e = EIO) end.
Proof.
  intros Hok. unfold prepare_slots, op_get, id. cbn [op_bind].
  destruct (reserve_with_spec 4 imem (Z.of_nat count) (@IoBuffer.new nat)) as (v & r & -> & _ & _ & _ & He).
  destruct r as [[]|e]; [|destruct (He e eq_refl) as [_ ?]; exists t, (Err e); by split_and!].
  set (reused := take count _). set (n := (count - length reused)%nat).
  assert (NoDup reused /\ Forall (fun i => slots t !! i = Some None) reused) as [Hnd Hf].
  { destruct (free_from_spec (first_free (table t)) (slots t)) as [H1 H2]. subst reused.
    split; [by eapply sublist_NoDup, sublist_take|by apply Forall_take]. }
  rewrite bind_ok_or. destruct (checked_add_cases usize_max (lenZ (slots t)) (Z.of_nat n)) as [[-> Hw]|[-> _]];
    [|exists t, (Err ENOMEM); split_and!; auto; done].
  destruct (prepare_length_spec mem (lenZ (slots t) + Z.of_nat n) t Hok) as (t1 & r & E & Hs & H1 & Hr & He').
  destruct r as [[]|e].
  - rewrite (bind_ok _ _ _ _ _ E). eexists t1, _. split; [reflexivity|]. split; [done|]. split; [done|].
    assert (length reused <= count)%nat by (subst reused; rewrite length_take; lia).
    split; [rewrite length_app, length_seq; lia|]. destruct Hs as (Hs & _ & _). exists reused, n. rewrite Hs.
    destruct (Hr eq_refl). split_and!; try done; lia.
  - rewrite (bind_err _ _ _ _ _ E). eexists t1, _. split; [done|]. split; [done|]. split; [done|]. by apply He'.
Qed.

Fixpoint publish_all (l : list (nat * PipeBuffer F D)) : op (Table F D) unit :=
  match l with
  | [] => op_ret tt
  | (i, b) :: l => do! _ <- publish_prepared i b; publish_all l
  end.

Lemma ready_first t i l : table_ok t -> ready_slots t (i :: l) ->
  vacant t i /\ Z.of_nat i < u32_max /\ (i = length (slots t) -> Z.of_nat i < IoBuffer.capacity (pipes (table t))).
Proof.
  intros Hok (reused & n & E & _ & Hf & Hc & Hw). destruct reused as [|j reused].
  - destruct n as [|n]; [done|]. simpl in E. simplify_eq. split; [by right|]. lia.
  - simplify_eq/=. inversion Hf as [|? ? H ?]; subst. split; [by left|]. apply lookup_lt_Some in H. lia.
Qed.

Lemma ready_rest t i b l t' : ready_slots t (i :: l) -> published t i b t' ->
  IoBuffer.capacity (pipes (table t')) = IoBuffer.capacity (pipes (table t)) -> ready_slots t' l.
Proof.
  intros (reused & n & E & Hnd & Hf & Hc & Hw) (P1 & P2 & _) Hcap. rewrite <- Hcap in Hc. destruct reused as [|j reused].
  - destruct n as [|n]; [done|]. simpl in E. simplify_eq. exists [], n.
    assert (length (slots t') = S (length (slots t))) as -> by lia. split_and!; try done; try constructor; lia.
  - simplify_eq/=. inversion Hf as [|? ? Hi Hf']; subst. apply lookup_lt_Some in Hi. inversion Hnd as [|? ? Hn Hnd']; subst.
    assert (length (slots t') = length (slots t)) as El by lia. exists reused, n. rewrite El. split_and!; try done.
    apply Forall_forall. intros k Hk. rewrite P1, decide_False by (intros ->; done).
    by apply (proj1 (Forall_forall _ _) Hf').
Qed.

Lemma publish_all_spec l t : table_ok t -> Forall (fun ib => pipe_ok (snd ib)) l -> ready_slots t (map fst l) ->
  exists t', publish_all l t = Some (t', Ok tt) /\ table_ok t'
    /\ (forall j, ~ In j (map fst l) -> slots t' !! j = slots t !! j)
    /\ (forall i b, In (i, b) l -> NoDup (map fst l) -> slots t' !! i = Some (Some (with_index i b))).
Proof.
  revert t. induction l as [|[i b] l IH]; intros t Hok Hb Hr.
  { exists t. by split_and!. }
  inversion Hb as [|? ? Hb1 Hb2]; subst. simpl in Hr. destruct (ready_first t i _ Hok Hr) as (Hv & Hw & Hc).
  destruct (publish_spec t i b Hok Hb1 Hv Hw Hc) as (t1 & E & Hp & H1 & Hcap).
  cbn [publish_all]. rewrite (bind_ok _ _ _ _ _ E).
  destruct (IH t1 H1 Hb2 (ready_rest _ _ _ _ _ Hr Hp Hcap)) as (t2 & E2 & H2 & Ho & Hn). exists t2.
  destruct Hp as (P1 & _). split; [done|]. split; [done|]. split.
  - intros j Hj. simpl in Hj. rewrite Ho by tauto. rewrite P1, decide_False by (intros ->; tauto). done.
  - intros i' b' [[= <- <-]|Hin] Hnd; inversion Hnd as [|? ? Hni Hnd']; subst; [|by apply Hn].
    rewrite Ho by (by rewrite <- list_elem_of_In). by rewrite P1, decide_True.
Qed.

Lemma ready_nodup t l : ready_slots t l -> NoDup l.
Proof.
  intros (reused & n & -> & Hnd & Hf & _). apply NoDup_app. split; [done|]. split; [|apply NoDup_seq].
  intros i Hi%(proj1 (Forall_forall _ _) Hf) Hs. apply lookup_lt_Some in Hi. apply elem_of_seq in Hs. lia.
Qed.

(** *** Connections *)

(** What a reset with [token] does to one slot. *)
Definition reset_slot (token : Z) (o : option (PipeBuffer F D)) : option (PipeBuffer F D) :=
  match o with
  | Some b => if tcp_connection_id (stream b) =? token then Some (pipe (reset_stream ECONNRESET (mkCtx b []))) else Some b
  | None => None
  end.
Definition carries t (token : Z) (i : nat) : Prop := exists b, get t i = Some b /\ tcp_connection_id (stream b) = token.

Lemma reset_stream_log b l : pipe (reset_stream ECONNRESET (mkCtx b l)) = pipe (@reset_stream F D ECONNRESET (mkCtx b [])).
Proof. unfold reset_stream. simpl. by destruct (stream_error_code (stream b) =? 0). Qed.

Lemma reset_if_spec token i t : exists t' f, reset_if token i t = (t', f)
  /\ (forall j, slots t' !! j = if (j =? i)%nat then reset_slot token <$> slots t !! j else slots t !! j)
  /\ (f = true <-> carries t token i).
Proof.
  unfold reset_if. destruct (get t i) as [b|] eqn:E.
  - apply get_slot in E as Es. destruct (Z.eqb_spec (tcp_connection_id (stream b)) token) as [Et|Et].
    + eexists _, _. split; [done|]. unfold with_slot. rewrite E.
      change (mkTab _ _) with (moved t i (reset_stream ECONNRESET (mkCtx b (events t)))). rewrite moved_slots. split.
      * intros j. destruct (Nat.eqb_spec j i) as [->|]; [|by rewrite list_lookup_insert_ne].
        apply lookup_lt_Some in Es as Hl. rewrite list_lookup_insert_eq, Es by done. simpl.
        by rewrite (proj2 (Z.eqb_eq _ _) Et), reset_stream_log.
      * split; [|done]. intros _. by exists b.
    + eexists _, _. split; [done|]. split.
      * intros j. destruct (Nat.eqb_spec j i) as [->|]; [|done]. rewrite Es. simpl. by rewrite (proj2 (Z.eqb_neq _ _) Et).
      * split; [done|]. intros (b' & Hb & Hc). congruence.
  - eexists _, _. split; [done|]. split.
    + intros j. destruct (Nat.eqb_spec j i) as [->|]; [|done]. unfold get in E. by destruct (slots t !! i) as [[?|]|].
    + split; [done|]. intros (b' & Hb & _). congruence.
Qed.

Lemma reset_if_ok token i t : table_ok t -> table_ok (fst (reset_if token i t)).
Proof.
  intros H. unfold reset_if. destruct (get t i) as [b|]; [|done]. case_match; [|done].
  apply with_slot_ok; [intros p; apply s_reset_stream|done].
Qed.

(** ** Reachable tables *)

(** A pipe as it is handed to the table: one that its own methods produced. *)
Definition allocatable b : Prop := exists p0 p : Pipe F D, fresh_pipe p0 /\ rtc pipe_step p0 p /\ core b = core (pipe p).

Lemma allocatable_ok b : allocatable b -> pipe_ok b.
Proof. intros (p0 & p & H0 & Hs & Hc). eapply pipe_ok_core; [exact Hc|]. by eapply reachable_pipe_ok. Qed.

Inductive table_step : Table F D -> Table F D -> Prop :=
  | ts_alloc mem b t t' r : allocatable b -> try_alloc slot_size mem b t = Some (t', r) -> table_step t t'
  | ts_pair mem b1 b2 t t' r : allocatable b1 -> allocatable b2 -> try_alloc_pair slot_size mem b1 b2 t = Some (t', r) ->
      table_step t t'
  | ts_prepare mem t t' r : prepare_slot slot_size mem t = Some (t', r) -> table_step t t'
  | ts_prepare_slots imem mem n t t' r : prepare_slots slot_size imem mem n t = Some (t', r) -> table_step t t'
  | ts_publish l t t' r : Forall (fun ib => allocatable (snd ib)) l -> ready_slots t (map fst l) ->
      publish_all l t = Some (t', r) -> table_step t t'
  | ts_pipe i b q t : get t i = Some b -> pipe_step (mkCtx b (events t)) q -> table_step t (moved t i q)
  | ts_reset recv send token t : table_step t (fst (reset_tcp_connection recv send token t))
  | ts_free i t : table_step t (free_if_closed i t)
  | ts_sweep t : table_step t (finish_ancillary_transition t)
  | ts_discard i t t' r : discard_unclaimed i t = Some (t', r) -> table_step t t'
  | ts_unlink i t : table_step t (remove_fifo_name i t)
  | ts_unlink_at i sec nsec t : table_step t (remove_fifo_name_at i sec nsec t)
  | ts_write_rights size mem i data batch t t' r : allocator_ok mem ->
      write_retained_ancillary size mem i data batch t = Some (t', r) -> table_step t t'
  | ts_take_ready o t : table_step t (fst (take_ready_fifo_open o t))
  | ts_cancel o t : table_step t (fst (cancel_fifo_open o t))
  | ts_cancel_process pid t : table_step t (fst (cancel_fifo_opens_for_process pid t)).

Lemma events_ok t l : table_ok t -> table_ok (mkTab (table t) l).
Proof. intros []. by split. Qed.

Lemma write_retained_ok size mem i data batch t t' r : allocator_ok mem -> table_ok t ->
  write_retained_ancillary size mem i data batch t = Some (t', r) -> table_ok t'.
Proof.
  intros Hm Hok E. unfold write_retained_ancillary in E. unfold op_bind at 1, on_slot in E.
  destruct (get t i) as [b|] eqn:Eg.
  - destruct (write_with_ancillary size mem data batch (mkCtx b (events t))) as [[p [n|e]]|] eqn:Ew; [| |done].
    + unfold op_bind, op_modify, op_ret in E. simplify_eq. apply collect_ok. eapply (step_moved_ok t i b p); [done..|].
      by eapply s_write_rights.
    + simplify_eq. eapply (step_moved_ok t i b p); [done..|]. by eapply s_write_rights.
  - unfold op_bind, op_modify, op_err in E. simplify_eq. by apply events_ok.
Qed.

Lemma cancel_open_ok o t : table_ok t -> table_ok (fst (cancel_fifo_open o t)).
Proof.
  intros Hok. unfold cancel_fifo_open. destruct (find_fifo_open t o) as [i|]; [|done].
  destruct (get t i) as [b|] eqn:E; [|done]. pose proof (s_cancel o (mkCtx b (events t))) as Hs.
  destruct (Pipe.cancel_fifo_open o (mkCtx b (events t))) as [p w]. cbn [fst] in *.
  pose proof (step_moved_ok t i b p Hok E Hs) as H1. destruct w; [by apply free_if_closed_ok|exact H1].
Qed.

Lemma take_ready_ok o t : table_ok t -> table_ok (fst (take_ready_fifo_open o t)).
Proof.
  intros Hok. unfold take_ready_fifo_open. destruct (find_fifo_open t o) as [i|]; [|done].
  destruct (get t i) as [b|] eqn:E; [|done]. pose proof (s_take_ready o (mkCtx b (events t))) as Hs.
  destruct (Pipe.take_ready_fifo_open o (mkCtx b (events t))) as [p w]. cbn [fst] in *.
  exact (step_moved_ok t i b p Hok E Hs).
Qed.

Lemma cancel_slot_ok pid i acc : table_ok (fst acc) -> table_ok (fst (cancel_slot pid i acc)).
Proof.
  destruct acc as [t ws]. intros Hok. unfold cancel_slot. cbn [fst] in Hok.
  destruct (get t i) as [b|] eqn:E; [|by apply free_if_closed_ok].
  destruct (is_fifo (fifo b)); [|by apply free_if_closed_ok]. pose proof (s_cancel_process pid (mkCtx b (events t))) as Hs.
  destruct (Pipe.cancel_fifo_opens_for_process pid (mkCtx b (events t))) as [p w]. cbn [fst] in *.
  apply free_if_closed_ok. exact (step_moved_ok t i b p Hok E Hs).
Qed.

Lemma cancel_process_ok pid t : table_ok t -> table_ok (fst (cancel_fifo_opens_for_process pid t)).
Proof.
  intros Hok. unfold cancel_fifo_opens_for_process. generalize (seq 0 (length (slots t))).
  assert (table_ok (fst (t, @nil (FifoOpenWaiter D)))) as H by done. revert H. generalize (t, @nil (FifoOpenWaiter D)).
  intros acc H l. revert acc H. induction l as [|i l IH]; intros acc H; [done|]. apply IH. by apply cancel_slot_ok.
Qed.

Lemma reset_tcp_ok recv send token t : table_ok t -> table_ok (fst (reset_tcp_connection recv send token t)).
Proof.
  intros Hok. unfold reset_tcp_connection. case_match; [done|]. pose proof (reset_if_ok token recv t Hok) as H1.
  destruct (reset_if token recv t) as [t1 f1]. pose proof (reset_if_ok token send t1 H1) as H2.
  by destruct (reset_if token send t1) as [t2 f2].
Qed.

Lemma table_step_ok t t' : table_ok t -> table_step t t' -> table_ok t'.
Proof.
  intros Hok Hs. destruct Hs as [mem b t t' r Hb E|mem b1 b2 t t' r Hb1 Hb2 E|mem t t' r E|imem mem n t t' r E|l t t' r Hl Hr E
    |i b q t Hg Hq|recv send token t|i t|t|i t t' r E|i t|i sec nsec t|size mem i data batch t t' r Hm E|o t|o t|pid t].
  - destruct (try_alloc_spec mem b t Hok (allocatable_ok b Hb)) as (? & ? & E' & ? & _). by rewrite E in E'; simplify_eq.
  - destruct (try_alloc_pair_spec mem b1 b2 t Hok (allocatable_ok b1 Hb1) (allocatable_ok b2 Hb2)) as (? & ? & E' & ? & _).
    by rewrite E in E'; simplify_eq.
  - destruct (prepare_slot_spec mem t Hok) as (? & ? & E' & _ & ? & _). by rewrite E in E'; simplify_eq.
  - destruct (prepare_slots_spec imem mem n t Hok) as (? & ? & E' & _ & ? & _). by rewrite E in E'; simplify_eq.
  - destruct (publish_all_spec l t Hok) as (? & E' & ? & _); [|done|by rewrite E in E'; simplify_eq].
    eapply Forall_impl; [exact Hl|]. intros ib. apply allocatable_ok.
  - by eapply step_moved_ok.
  - by apply reset_tcp_ok.
  - by apply free_if_closed_ok.
  - by apply collect_ok.
  - unfold discard_unclaimed in E. destruct (get t i); [|by simplify_eq]. case_match; [|done]. simplify_eq.
    by apply (vacated_ok t i (events t)).
  - apply free_if_closed_ok, with_slot_ok; [|done]. intros p. apply s_remove_name.
  - apply free_if_closed_ok, with_slot_ok; [|done]. intros p. apply s_remove_name_at.
  - by eapply write_retained_ok.
  - by apply take_ready_ok.
  - by apply cancel_open_ok.
  - by apply cancel_process_ok.
Qed.

Definition empty_table : Table F D := mkTab new_table [].

Lemma empty_table_ok : table_ok empty_table.
Proof. split; simpl; try done; lia. Qed.

Lemma reachable_table_ok t : rtc table_step empty_table t -> table_ok t.
Proof.
  assert (forall t0 t, rtc table_step t0 t -> table_ok t0 -> table_ok t) as H.
  { intros t0 t1 Hs. induction Hs as [|t0 t1 t2 Hs _ IH]; [done|]. intros H. apply IH. by eapply table_step_ok. }
  intros Hs. eapply H; [exact Hs|apply empty_table_ok].
Qed.
End Invariant.

(** ** Properties *)

(** Every table the kernel can reach is well formed: each pipe knows the index
    of its slot and keeps its own invariant, no slot below [first_free] is
    free; and an allocation never panics there. *)
Theorem pipe_table_invariant {F D} slot_size (t : Table F D) : rtc (table_step slot_size) empty_table t ->
  table_ok t /\ forall mem b1 b2, allocatable b1 -> allocatable b2 ->
    try_alloc slot_size mem b1 t <> None /\ try_alloc_pair slot_size mem b1 b2 t <> None.
Proof.
  intros Hs. pose proof (reachable_table_ok _ _ Hs) as Hok. split; [done|].
  intros mem b1 b2 H1%allocatable_ok H2%allocatable_ok.
  destruct (try_alloc_spec slot_size mem b1 t Hok H1) as (? & ? & -> & _).
  by destruct (try_alloc_pair_spec slot_size mem b1 b2 t Hok H1 H2) as (? & ? & -> & _).
Qed.

(** An allocation takes the lowest free slot and changes no other one; a pair
    takes the lowest two adjacent free slots, or the two after the last, and the
    second index is the successor of the first. A refused allocation changes
    nothing and reports ENOMEM or EIO. *)
Theorem pipe_allocation {F D} slot_size (t : Table F D) mem b1 b2 : rtc (table_step slot_size) empty_table t ->
  allocatable b1 -> allocatable b2 ->
  (exists t' r, try_alloc slot_size mem b1 t = Some (t', r)
     /\ match r with
        | Ok i => lowest t i /\ forall j, slots t' !! j = if decide (j = i) then Some (Some (with_index i b1)) else slots t !! j
        | Err e => t' = t /\ (e = ENOMEM \/ e = EIO)
        end)
  /\ exists t' r, try_alloc_pair slot_size mem b1 b2 t = Some (t', r)
     /\ match r with
        | Ok (i, j) => j = S i /\ paired t i b1 b2 t'
            /\ forall k, slots t !! k = Some None -> slots t !! S k = Some None -> (i <= k)%nat
        | Err e => t' = t /\ (e = ENOMEM \/ e = EIO)
        end.
Proof.
  intros Hok%reachable_table_ok H1%allocatable_ok H2%allocatable_ok. split.
  - destruct (try_alloc_spec slot_size mem b1 t Hok H1) as (t' & r & E & _ & H). exists t', r. split; [done|].
    destruct r; [|by destruct H as (? & ? & _)]. destruct H as [? [? _]]. done.
  - destruct (try_alloc_pair_spec slot_size mem b1 b2 t Hok H1 H2) as (t' & r & E & _ & H). eauto.
Qed.

(** The slots that [prepare_slots] returns can be published: the commit of as
    many pipes never panics, each pipe lands in its own slot, and no other slot
    changes. *)
Theorem prepared_slots_publish {F D} slot_size (t : Table F D) imem mem count bs t1 l :
  rtc (table_step slot_size) empty_table t -> prepare_slots slot_size imem mem count t = Some (t1, Ok l) ->
  length bs = count -> Forall allocatable bs ->
  exists t2, publish_all (zip l bs) t1 = Some (t2, Ok tt)
    /\ (forall k i b, l !! k = Some i -> bs !! k = Some b -> slots t !! i = Some None \/ slots t !! i = None)
    /\ (forall k i b, l !! k = Some i -> bs !! k = Some b -> slots t2 !! i = Some (Some (with_index i b)))
    /\ forall j, j ∉ l -> slots t2 !! j = slots t !! j.
Proof.
  intros Hok%reachable_table_ok E Hl Hb. destruct (prepare_slots_spec slot_size imem mem count t Hok) as (t' & r & E' & Hs & H1 & Hr).
  rewrite E in E'. simplify_eq. destruct Hr as [Hlen Hr].
  assert (map fst (zip l bs) = l) as Hz by (apply fst_zip; lia).
  destruct (publish_all_spec (zip l bs) t' H1) as (t2 & E2 & _ & Ho & Hn).
  { apply Forall_forall. intros [i b] Hin. apply elem_of_zip_r in Hin. apply allocatable_ok. by apply (proj1 (Forall_forall _ _) Hb). }
  { by rewrite Hz. }
  rewrite Hz in Ho, Hn. destruct Hs as (Hs & _). exists t2. split; [done|]. split_and!.
  - intros k i b Hi _. destruct Hr as (reused & n & -> & _ & Hf & _). rewrite <- Hs.
    apply lookup_app_Some in Hi as [Hi|[_ Hi]].
    + left. by apply (proj1 (Forall_forall _ _) Hf), (list_elem_of_lookup_2 _ k).
    + right. apply lookup_seq in Hi as [-> _]. apply lookup_ge_None_2. lia.
  - intros k i b Hi Hbk. apply Hn; [|by eapply ready_nodup]. apply list_elem_of_In, (list_elem_of_lookup_2 _ k).
    apply lookup_zip_with_Some. by exists i, b.
  - intros j Hj. rewrite Ho, Hs; [done|]. by rewrite <- list_elem_of_In.
Qed.

(** A slot is emptied only when its pipe is fully closed; the only other
    change of a release is that a pipe whose readers are all in flight loses the
    descriptors queued on it, and its bytes stay. *)
Theorem live_pipe_never_freed {F D} (t : Table F D) i j b : get t j = Some b ->
  (is_fully_closed b = false \/ j <> i ->
     exists b', get (free_if_closed i t) j = Some b' /\ (has_external_reader b = true -> b' = b)
       /\ contents b' = contents b /\ ends b' = ends b /\ fifo b' = fifo b /\ stream b' = stream b)
  /\ (is_fully_closed b = true -> get (free_if_closed j t) j = None).
Proof.
  intros E%get_slot. split.
  - intros Hc. exists (tidy b). rewrite get_slot, free_if_closed_slots, E. split.
    + destruct (Nat.eqb_spec j i) as [->|]; [|done]. destruct Hc as [->|]; done.
    + unfold tidy. destruct (has_external_reader b); by split_and!.
  - intros Hc. unfold get. by rewrite free_if_closed_slots, E, Nat.eqb_refl, Hc.
Qed.

(** The exit of a process cancels its blocked FIFO opens in every slot,
    returns exactly their waiters, and keeps the opens of every other process. *)
Theorem exit_cancels_every_open {F D} (t : Table F D) pid : owner_keys t ->
  exists t' ws, cancel_fifo_opens_for_process pid t = (t', ws)
    /\ (forall j b' k w, get t' j = Some b' -> is_fifo (fifo b') = true -> waiting_opens b' !! k = Some w -> owner_pid k <> pid)
    /\ (forall j b', get t' j = Some b' -> exists b, get t j = Some b
          /\ forall k, owner_pid k <> pid -> waiting_opens b' !! k = waiting_opens b !! k)
    /\ forall w, In w ws <-> exists j, opener t pid j w.
Proof.
  intros Hk. unfold cancel_fifo_opens_for_process.
  destruct (cancel_loop_spec pid t (length (slots t)) Hk) as (t' & ws & E & L & _ & Hlt & Hw); [lia|].
  assert (forall j b, get t' j = Some b -> (j < length (slots t))%nat) as Hb.
  { intros j b Hb%get_slot%lookup_lt_Some. lia. }
  exists t', ws. split; [done|]. split_and!.
  - intros j b' k w Hg Hf Hkw. destruct (Hlt j b' (Hb _ _ Hg) Hg) as (b & _ & Hc). unfold opens_cancelled in Hc.
    destruct (is_fifo (fifo b)) eqn:Ef; [|congruence]. rewrite Hc in Hkw. destruct (Z.eqb_spec (owner_pid k) pid); done.
  - intros j b' Hg. destruct (Hlt j b' (Hb _ _ Hg) Hg) as (b & Hgb & Hc). exists b. split; [done|]. intros k Hp.
    unfold opens_cancelled in Hc. destruct (is_fifo (fifo b)); [|unfold waiting_opens; by rewrite Hc].
    rewrite Hc. by rewrite (proj2 (Z.eqb_neq _ _)).
  - intros w. rewrite Hw. split; [intros (j & _ & ?); eauto|]. intros (j & Hop). exists j. split; [|done].
    destruct Hop as (b & k & Hg%get_slot%lookup_lt_Some & _). lia.
Qed.

(** A reset reaches exactly the two pipes of the connection: a slot that
    another pipe has taken since is untouched, and the call fails with ENOTCONN
    when neither pipe carries the token any more. *)
Theorem reset_tcp_exact {F D} (t : Table F D) recv token : token <> 0 -> Z.of_nat recv + 1 <= usize_max ->
  let send := S recv in
  exists t' r, reset_tcp_connection recv send token t = (t', r)
    /\ (carries t token recv \/ carries t token send -> r = Ok tt)
    /\ (~ (carries t token recv \/ carries t token send) -> r = Err ENOTCONN)
    /\ forall j, slots t' !! j
         = if (j =? recv)%nat || (j =? send)%nat then reset_slot token <$> slots t !! j else slots t !! j.
Proof.
  intros Ht Hw send. unfold reset_tcp_connection, checked_add.
  rewrite (proj2 (Z.leb_le _ _) Hw), bool_decide_true by (unfold send; f_equal; lia). rewrite (proj2 (Z.eqb_neq _ _) Ht). simpl.
  destruct (reset_if_spec token recv t) as (t1 & f1 & -> & H1 & F1).
  destruct (reset_if_spec token send t1) as (t2 & f2 & -> & H2 & F2). exists t2. eexists. split; [done|].
  assert (carries t1 token send <-> carries t token send) as Hc.
  { unfold carries. assert (get t1 send = get t send) as ->; [|done]. unfold get.
    by rewrite H1, (proj2 (Nat.eqb_neq send recv)) by (unfold send; lia). }
  rewrite Hc in F2. split_and!.
  - rewrite <- F1, <- F2. intros [->| ->]; [done|]. by rewrite orb_true_r.
  - rewrite <- F1, <- F2. destruct f1, f2; simpl; intros H; tauto || done.
  - intros j. rewrite H2, H1. unfold send. destruct (Nat.eqb_spec j recv), (Nat.eqb_spec j (S recv)); try done; lia.
Qed.

(** ** Witnesses *)

Definition small_pipe : PipeBuffer Z Z := pipe witness_new.
Lemma small_pipe_allocatable : allocatable small_pipe.
Proof. exists witness_new, witness_new. split; [apply witness_new_fresh|]. split; [apply rtc_refl|done]. Qed.

Definition after {A} (m : op (Table Z Z) A) (t : Table Z Z) : Table Z Z := match m t with Some (t', _) => t' | None => t end.

(** Three pipes, of which the second was never claimed and is free again. *)
Definition witness_table : Table Z Z :=
  after (discard_unclaimed 1) (after (try_alloc 64 witness_mem small_pipe)
    (after (try_alloc_pair 64 witness_mem small_pipe (with_connection 7 small_pipe)) empty_table)).

Lemma witness_pipes_reachable : rtc (table_step 64) empty_table witness_table.
Proof.
  eapply rtc_l; [eapply (ts_pair 64 witness_mem small_pipe (with_connection 7 small_pipe));
    [apply small_pipe_allocatable|apply small_pipe_allocatable|vm_compute; reflexivity]|].
  eapply rtc_l; [eapply (ts_alloc 64 witness_mem small_pipe); [apply small_pipe_allocatable|vm_compute; reflexivity]|].
  eapply rtc_l; [eapply (ts_discard 64 1); vm_compute; reflexivity|]. vm_compute. apply rtc_refl.
Qed.

Lemma pipe_table_invariant_witness : table_ok witness_table /\ try_alloc 64 witness_mem small_pipe witness_table <> None.
Proof.
  destruct (pipe_table_invariant 64 _ witness_pipes_reachable) as [H1 H2]. split; [exact H1|].
  apply (H2 _ _ small_pipe small_pipe_allocatable small_pipe_allocatable).
Defined.

Lemma pipe_allocation_witness :
  exists t' r, try_alloc 64 witness_mem small_pipe witness_table = Some (t', r) /\ r = Ok 1%nat /\ lowest witness_table 1.
Proof.
  destruct (pipe_allocation 64 _ witness_mem _ _ witness_pipes_reachable small_pipe_allocatable small_pipe_allocatable)
    as [(t' & r & E & H) _].
  exists t', r. split; [exact E|]. assert (r = Ok 1%nat) as -> by (vm_compute in E; congruence). split; [reflexivity|apply H].
Defined.

Lemma prepared_slots_publish_witness :
  exists t1 l t2, prepare_slots 64 witness_mem witness_mem 2 witness_table = Some (t1, Ok l) /\ l = [1; 3]%nat
    /\ publish_all (zip l [small_pipe; small_pipe]) t1 = Some (t2, Ok tt).
Proof.
  destruct (prepare_slots 64 witness_mem witness_mem 2 witness_table) as [[t1 [l|e]]|] eqn:E; [|vm_compute in E; discriminate E..].
  destruct (prepared_slots_publish 64 _ witness_mem witness_mem 2 [small_pipe; small_pipe] t1 l witness_pipes_reachable E)
    as (t2 & E2 & _); [reflexivity|repeat constructor; apply small_pipe_allocatable|].
  exists t1, l, t2. split; [reflexivity|]. split; [vm_compute in E; congruence|exact E2].
Defined.

Lemma live_pipe_never_freed_witness :
  exists b b', get witness_table 0 = Some b /\ get (free_if_closed 0 witness_table) 0 = Some b' /\ b' = b.
Proof.
  destruct (get witness_table 0) as [b|] eqn:E; [|vm_compute in E; discriminate E].
  destruct (live_pipe_never_freed witness_table 0 0 b E) as [H _].
  destruct H as (b' & H1 & H2 & _); [left; vm_compute in E; injection E as <-; reflexivity|].
  exists b, b'. split; [reflexivity|]. split; [exact H1|]. apply H2. vm_compute in E. injection E as <-. reflexivity.
Defined.

(** A table with the FIFO of the pipe witnesses. *)
Definition fifo_table : Table Z Z := mkTab (mkTable (mkIoBuffer [Some (pipe witness_fifo)] 4) 1) [].

Lemma exit_cancels_every_open_witness :
  exists t' ws, cancel_fifo_opens_for_process 5 fifo_table = (t', ws)
    /\ forall w, In w ws <-> exists j, opener fifo_table 5 j w.
Proof.
  destruct (exit_cancels_every_open fifo_table 5) as (t' & ws & E & _ & _ & H); [|exists t', ws; split; [exact E|exact H]].
  intros j b k w Hg Hk. apply get_slot in Hg. destruct j as [|j]; [|destruct j; discriminate Hg].
  injection Hg as <-. unfold waiting_opens in Hk. cbn [witness_fifo pipe fifo set_waiters fifo_open_waiters] in Hk.
  apply lookup_insert_Some in Hk as [[<- _]|[_ Hk]]; [lia|].
  apply lookup_insert_Some in Hk as [[<- _]|[_ Hk]]; [lia|]. apply lookup_singleton_Some in Hk as [<- _]. lia.
Defined.

Lemma reset_tcp_exact_witness :
  let t := after (try_alloc_pair 64 witness_mem (with_connection 7 small_pipe) (with_connection 7 small_pipe)) empty_table in
  exists t', reset_tcp_connection 0 1 7 t = (t', Ok tt).
Proof.
  intros t. destruct (reset_tcp_exact t 0 7) as (t' & r & E & H & _); [discriminate|vm_compute; discriminate|].
  exists t'. rewrite <- H; [exact E|]. left. eexists. vm_compute. split; reflexivity.
Defined.
