(* ===== verification/Mmap.v ===== *)
(** * Address spaces (crates/runtime-core/src/memory.rs, [MemoryManager])

    The kernel keeps, per process, the mapped regions of the linear memory,
    the regions the host reserved in it, and the program break. Regions live in
    sorted vectors; mapping and unmapping split, trim and insert them. The
    bytes themselves are not here: a region only says which addresses are in
    use and with which protection and flags.

    Addresses and lengths are [usize] (32 bit on the target). [sys_mremap]
    (syscalls.rs) works on this state alone and is modelled with it. *)

From S2P Require Import Prelude IoBuffer.

Definition MAP_SHARED : Z := 1.
Definition MAP_PRIVATE : Z := 2.
Definition MAP_FIXED : Z := 16.
Definition MAP_ANONYMOUS : Z := 32.
Definition MAP_FAILED : Z := 4294967295.
Definition MREMAP_MAYMOVE : Z := 1.

Definition MMAP_BASE : Z := 67108864.
Definition INITIAL_BRK : Z := 16777216.
Definition DEFAULT_MAX_ADDR : Z := 1073741824.

Record MappedRegion : Type := mkRegion { addr : Z; len : Z; prot : Z; flags : Z }.
Record ReservedRegion : Type := mkReserved { raddr : Z; rlen : Z }.
Record MemoryLayoutMetadata : Type := mkLayout {
  l_initial_brk : Z; l_max_addr : Z; l_brk_limit : Z; l_mmap_base : Z; l_reserved_until : Z }.

Record MemoryManager : Type := mkMemory {
  mappings : IoBuffer MappedRegion;
  reserved_regions : IoBuffer ReservedRegion;
  program_break : Z; max_addr : Z; mmap_base : Z; reserved_until : Z;
  brk_limit : Z; data_limit : Z; initial_brk : Z }.

Section Methods.
Implicit Types (m : MemoryManager) (r : MappedRegion).
(** [size_of] of the two region types. *)
Definition region_size : Z := 16.
Definition reserved_size : Z := 8.

Definition new : MemoryManager :=
  mkMemory IoBuffer.new IoBuffer.new INITIAL_BRK DEFAULT_MAX_ADDR MMAP_BASE 0 DEFAULT_MAX_ADDR u64_max INITIAL_BRK.

Definition with_mappings m (v : IoBuffer MappedRegion) : MemoryManager :=
  mkMemory v (reserved_regions m) (program_break m) (max_addr m) (mmap_base m) (reserved_until m)
    (brk_limit m) (data_limit m) (initial_brk m).
Definition with_reserved m (v : IoBuffer ReservedRegion) : MemoryManager :=
  mkMemory (mappings m) v (program_break m) (max_addr m) (mmap_base m) (reserved_until m)
    (brk_limit m) (data_limit m) (initial_brk m).
Definition with_break m (brk : Z) : MemoryManager :=
  mkMemory (mappings m) (reserved_regions m) brk (max_addr m) (mmap_base m) (reserved_until m)
    (brk_limit m) (data_limit m) (initial_brk m).
Definition regions m : list MappedRegion := values (mappings m).
Definition reserves m : list ReservedRegion := values (reserved_regions m).

(** A method of one of the two vectors. *)
Definition on_mappings {A} (f : op (IoBuffer MappedRegion) A) : op MemoryManager A := fun m =>
  match f (mappings m) with None => None | Some (v, res) => Some (with_mappings m v, res) end.
Definition on_reserved {A} (f : op (IoBuffer ReservedRegion) A) : op MemoryManager A := fun m =>
  match f (reserved_regions m) with None => None | Some (v, res) => Some (with_reserved m v, res) end.

Definition end_of r : Z := saturating_add usize_max (addr r) (len r).
Definition rend_of (s : ReservedRegion) : Z := saturating_add usize_max (raddr s) (rlen s).

(** [v & !0xFFFF], and [len.checked_add(0xFFFF)] rounded so. *)
Definition page_down (v : Z) : Z := Z.ldiff v 65535.
Definition page_len (n : Z) : option Z := option_map page_down (checked_add usize_max n 65535).
Definition align_page_up (a : Z) : Z := page_down (saturating_add usize_max a 65535).

Definition has_shared_mapping m : bool := existsb (fun r => has_flag (flags r) MAP_SHARED) (regions m).

(** [sort_unstable_by_key]: the order of equal keys is not specified, the
    model keeps them as given. *)
Definition region_le r1 r2 : Prop := addr r1 <= addr r2.
#[global] Instance region_le_dec : RelDecision region_le.
Proof. intros r1 r2. unfold region_le. apply _. Defined.
Definition set_mappings (v : IoBuffer MappedRegion) m : MemoryManager :=
  with_mappings m (mkIoBuffer (merge_sort region_le (values v)) (IoBuffer.capacity v)).

(** ** Unmapping *)

(** The loop of [mapping_count_after_unmap]. *)
Fixpoint count_loop (a e : Z) (l : list MappedRegion) (remaining : Z) : result Z :=
  match l with
  | [] => Ok remaining
  | r :: l =>
      if end_of r <=? a then count_loop a e l remaining
      else if e <=? addr r then Ok remaining
      else if (a <=? addr r) && (end_of r <=? e) then count_loop a e l (remaining - 1)
      else if (addr r <? a) && (e <? end_of r) then
        let? remaining := ok_or (checked_add usize_max remaining 1) ENOMEM in count_loop a e l remaining
      else count_loop a e l remaining
  end.
Definition mapping_count_after_unmap m (a n : Z) : result Z :=
  if n =? 0 then Ok (lenZ (regions m))
  else count_loop a (saturating_add usize_max a n) (regions m) (lenZ (regions m)).

Definition prepare_mapping_change (mem : Memory) (a n additional : Z) : op MemoryManager unit :=
  do! m <- op_get id;
  do! count <- op_lift (mapping_count_after_unmap m a n);
  do! want <- op_lift (ok_or (checked_add usize_max (Z.max count (lenZ (regions m))) additional) ENOMEM);
  on_mappings (try_reserve region_size mem (want - lenZ (regions m))).
Definition prepare_munmap (mem : Memory) (a n : Z) : op MemoryManager unit := prepare_mapping_change mem a n 0.
Definition prepare_mremap_move (mem : Memory) (a n : Z) : op MemoryManager unit := prepare_mapping_change mem a n 1.

Definition set_region (i : nat) r (v : IoBuffer MappedRegion) : IoBuffer MappedRegion :=
  mkIoBuffer (<[i := r]> (values v)) (IoBuffer.capacity v).
Definition remove_region (i : nat) (v : IoBuffer MappedRegion) : IoBuffer MappedRegion :=
  mkIoBuffer (remove_at i (values v)) (IoBuffer.capacity v).

(** The loop of [munmap_prepared]: each turn advances the index or removes a
    region, so the number of regions is enough fuel. *)
Fixpoint munmap_loop (fuel : nat) (a e : Z) (i : nat) (found : bool) : op (IoBuffer MappedRegion) bool := fun v =>
  match fuel, values v !! i with
  | _, None => Some (v, Ok found)
  | O, Some _ => None
  | S fuel, Some r =>
      if end_of r <=? a then munmap_loop fuel a e (S i) found v
      else if e <=? addr r then Some (v, Ok found)
      else
        match addr r <? a, e <? end_of r with
        | false, false => munmap_loop fuel a e i true (remove_region i v)
        | true, false => munmap_loop fuel a e (S i) true (set_region i (mkRegion (addr r) (a - addr r) (prot r) (flags r)) v)
        | false, true => Some (set_region i (mkRegion e (end_of r - e) (prot r) (flags r)) v, Ok true)
        | true, true =>
            (do! _ <- op_modify (set_region i (mkRegion (addr r) (a - addr r) (prot r) (flags r)));
             do! _ <- insert (S i) (mkRegion e (end_of r - e) (prot r) (flags r));
             op_ret true) v
        end
  end.
Definition munmap_prepared (a n : Z) : op MemoryManager bool := fun m =>
  on_mappings (munmap_loop (length (regions m)) a (saturating_add usize_max a n) 0 false) m.

Definition munmap (mem : Memory) (a n : Z) : op MemoryManager bool :=
  if n =? 0 then op_ret false
  else
    match page_len n with
    | None => op_ret false
    | Some aligned => do! _ <- prepare_munmap mem a aligned; munmap_prepared a aligned
    end.

(** ** Queries *)

(** The two ranges [a..e] and [s..t], ends excluded, have a common byte. *)
Definition overlap (a e s t : Z) : bool := (a <? t) && (s <? e).

Definition overlaps_host_control m (a n : Z) : bool :=
  if mmap_base m <=? brk_limit m then false
  else match checked_add usize_max a n with
       | None => true
       | Some e => (a <? mmap_base m) && (brk_limit m <? e)
       end.
Definition overlaps_reserved_prefix m (a n : Z) : bool :=
  if reserved_until m =? 0 then false
  else match checked_add usize_max a n with
       | None => true
       | Some e => (a <? reserved_until m) && (a <? e)
       end.
Definition overlaps_mappings m (a n : Z) : bool :=
  match checked_add usize_max a n with
  | None => true
  | Some e => existsb (fun r => overlap a e (addr r) (end_of r)) (regions m)
  end.
Definition overlaps_reserved_regions m (a n : Z) : bool :=
  match checked_add usize_max a n with
  | None => true
  | Some e => existsb (fun s : ReservedRegion => overlap a e (raddr s) (rend_of s)) (reserves m)
  end.
Definition overlaps_brk_heap m (a n : Z) : bool :=
  if program_break m <=? initial_brk m then false
  else match checked_add usize_max a n with
       | None => true
       | Some e => overlap a e (initial_brk m) (program_break m)
       end.

Definition is_mapped m (a : Z) : bool := existsb (fun r => (addr r <=? a) && (a <? addr r + len r)) (regions m).

Definition can_grow_at m (a n : Z) : bool :=
  match checked_add usize_max a n with
  | None => false
  | Some e =>
      if max_addr m <? e then false
      else if overlaps_host_control m a n then false
      else if overlaps_reserved_prefix m a n then false
      else if overlaps_reserved_regions m a n then false
      else if negb (reserved_until m =? 0) && overlaps_brk_heap m a n then false
      else negb (existsb (fun r => overlap a e (addr r) (end_of r)) (regions m))
  end.

(** The two sorted vectors as one stream of ranges, a mapping before a
    reserved region of the same address. *)
Fixpoint merged (ms : list MappedRegion) : list ReservedRegion -> list (Z * Z) :=
  fix inner (rs : list ReservedRegion) : list (Z * Z) :=
    match ms, rs with
    | [], [] => []
    | r :: ms', [] => (addr r, len r) :: merged ms' rs
    | [], s :: rs' => (raddr s, rlen s) :: inner rs'
    | r :: ms', s :: rs' =>
        if addr r <=? raddr s then (addr r, len r) :: merged ms' rs else (raddr s, rlen s) :: inner rs'
    end.
Fixpoint gap_scan (cursor needed limit : Z) (l : list (Z * Z)) : option Z :=
  match l with
  | [] => if saturating_add usize_max cursor needed <=? limit then Some cursor else None
  | (a, n) :: l =>
      let e := saturating_add usize_max a n in
      let next := if cursor <? e then e else cursor in
      if a <? cursor then gap_scan next needed limit l
      else if needed <=? a - cursor then Some cursor
      else gap_scan next needed limit l
  end.
Definition find_gap m (needed : Z) : option Z :=
  gap_scan (Z.max (mmap_base m) (program_break m)) needed (max_addr m) (merged (regions m) (reserves m)).

(** ** Mapping *)

Definition insert_region r : op MemoryManager unit := fun m =>
  on_mappings (insert (partition_point (fun x => addr x <? addr r) (regions m)) r) m.

Definition mmap_anonymous (mem : Memory) (hint n p f : Z) : op MemoryManager Z := fun m =>
  if n =? 0 then Some (m, Ok MAP_FAILED)
  else match page_len n with
  | None => Some (m, Ok MAP_FAILED)
  | Some aligned =>
      if negb (hint =? 0) && has_flag f MAP_FIXED then
        if (max_addr m <? saturating_add usize_max hint aligned)
           || overlaps_reserved_prefix m hint aligned || overlaps_reserved_regions m hint aligned
           || overlaps_host_control m hint aligned
           || negb (reserved_until m =? 0) && overlaps_brk_heap m hint aligned
        then Some (m, Ok MAP_FAILED)
        else
          match mapping_count_after_unmap m hint aligned with
          | Err _ => Some (m, Ok MAP_FAILED)
          | Ok count =>
              match checked_add usize_max count 1 with
              | None => Some (m, Ok MAP_FAILED)
              | Some required =>
                  op_match (on_mappings (try_reserve region_size mem (Z.max required (lenZ (regions m)) - lenZ (regions m))))
                    (fun _ =>
                       do! _ <- munmap_prepared hint aligned;
                       do! _ <- insert_region (mkRegion hint aligned p f);
                       op_ret hint)
                    (fun _ => op_ret MAP_FAILED) m
              end
          end
      else
        let rounded := page_down hint in
        let hinted := if (Z.max (mmap_base m) (program_break m) <=? rounded) && can_grow_at m rounded aligned
                      then Some rounded else None in
        match (match hinted with Some a => Some a | None => find_gap m aligned end) with
        | None => Some (m, Ok MAP_FAILED)
        | Some a =>
            op_match (on_mappings (try_reserve region_size mem 1))
              (fun _ => do! _ <- insert_region (mkRegion a aligned p f); op_ret a)
              (fun _ => op_ret MAP_FAILED) m
        end
  end.

Definition insert_reserved (s : ReservedRegion) : op MemoryManager unit := fun m =>
  on_reserved (insert (partition_point (fun x => raddr x <? raddr s) (reserves m)) s) m.

Definition reserve_at (mem : Memory) (a n : Z) : op MemoryManager Z :=
  op_match (on_reserved (try_reserve reserved_size mem 1))
    (fun _ => do! _ <- insert_reserved (mkReserved a n); op_ret a) (fun _ => op_ret MAP_FAILED).

Definition reserve_host_region (mem : Memory) (n : Z) : op MemoryManager Z := fun m =>
  if n =? 0 then Some (m, Ok MAP_FAILED)
  else match page_len n with
  | None => Some (m, Ok MAP_FAILED)
  | Some aligned =>
      match find_gap m aligned with
      | None => Some (m, Ok MAP_FAILED)
      | Some a => reserve_at mem a aligned m
      end
  end.

Definition reserve_host_region_at (mem : Memory) (a n : Z) : op MemoryManager Z := fun m =>
  if (n =? 0) || negb (Z.land a 65535 =? 0) then Some (m, Ok MAP_FAILED)
  else match page_len n with
  | None => Some (m, Ok MAP_FAILED)
  | Some aligned =>
      match checked_add usize_max a aligned with
      | None => Some (m, Ok MAP_FAILED)
      | Some e =>
          if (max_addr m <? e) || overlaps_reserved_prefix m a aligned || overlaps_host_control m a aligned
             || overlaps_mappings m a aligned || overlaps_reserved_regions m a aligned
             || negb (reserved_until m =? 0) && overlaps_brk_heap m a aligned
          then Some (m, Ok MAP_FAILED)
          else reserve_at mem a aligned m
      end
  end.

(** ** Break and layout *)

Definition set_brk_base (a : Z) m : MemoryManager :=
  mkMemory (mappings m) (reserved_regions m) a (max_addr m)
    (if mmap_base m <? a then align_page_up a else mmap_base m)
    (reserved_until m) (brk_limit m) (data_limit m) a.

Definition set_brk (new_brk : Z) m : MemoryManager * Z :=
  let pb := program_break m in
  if new_brk =? 0 then (m, pb)
  else if new_brk <? initial_brk m then (m, pb)
  else if max_addr m <? new_brk then (m, pb)
  else if brk_limit m <? new_brk then (m, pb)
  else if (pb <? new_brk) && overlaps_mappings m pb (new_brk - pb) then (m, pb)
  else if (pb <? new_brk) && overlaps_reserved_regions m pb (new_brk - pb) then (m, pb)
  else if (initial_brk m <? new_brk) && (data_limit m <? new_brk - initial_brk m) then (m, pb)
  else (with_break m new_brk, new_brk).

Definition set_data_limit (limit : Z) m : MemoryManager :=
  mkMemory (mappings m) (reserved_regions m) (program_break m) (max_addr m) (mmap_base m) (reserved_until m)
    (brk_limit m) limit (initial_brk m).
Definition set_max_addr (a : Z) m : MemoryManager :=
  if a <? max_addr m
  then mkMemory (mappings m) (reserved_regions m) (program_break m) a (mmap_base m) (reserved_until m)
         (brk_limit m) (data_limit m) (initial_brk m)
  else m.
Definition set_mmap_base (a : Z) m : MemoryManager :=
  mkMemory (mappings m) (reserved_regions m) (program_break m) (max_addr m)
    (Z.max (align_page_up a) (initial_brk m)) (Z.max (reserved_until m) (initial_brk m))
    (brk_limit m) (data_limit m) (initial_brk m).
Definition set_brk_limit (a : Z) m : MemoryManager :=
  if a <? brk_limit m
  then mkMemory (mappings m) (reserved_regions m) (program_break m) (max_addr m) (mmap_base m) (reserved_until m)
         a (data_limit m) (initial_brk m)
  else m.
Definition layout_metadata m : MemoryLayoutMetadata :=
  mkLayout (initial_brk m) (max_addr m) (brk_limit m) (mmap_base m) (reserved_until m).
Definition set_layout_metadata (d : MemoryLayoutMetadata) m : MemoryManager :=
  mkMemory (mappings m) (reserved_regions m) (program_break m) (l_max_addr d) (l_mmap_base d) (l_reserved_until d)
    (l_brk_limit d) (data_limit m) (l_initial_brk d).

Fixpoint extend_first (a old n : Z) (l : list MappedRegion) : option (list MappedRegion) :=
  match l with
  | [] => None
  | r :: l =>
      if (addr r =? a) && (len r =? old) then Some (mkRegion (addr r) n (prot r) (flags r) :: l)
      else option_map (cons r) (extend_first a old n l)
  end.
Definition extend_mapping (a old n : Z) m : MemoryManager * bool :=
  match extend_first a old n (regions m) with
  | Some l => (with_mappings m (mkIoBuffer l (IoBuffer.capacity (mappings m))), true)
  | None => (m, false)
  end.

(** ** [sys_mremap] (syscalls.rs) *)

Definition sys_mremap (mem : Memory) (old_addr old_len new_len f : Z) : op MemoryManager Z :=
  if (old_len =? 0) || (new_len =? 0) then op_err EINVAL
  else if negb (Z.ldiff f MREMAP_MAYMOVE =? 0) then op_err EINVAL
  else
    do! aligned_old <- op_lift (ok_or (page_len old_len) EINVAL);
    do! aligned_new <- op_lift (ok_or (page_len new_len) EINVAL);
    if aligned_new <=? aligned_old then
      do! _ <- (if aligned_new <? aligned_old
                then do! from <- op_lift (ok_or (checked_add usize_max old_addr aligned_new) EINVAL);
                     munmap mem from (aligned_old - aligned_new)
                else op_ret false);
      op_ret old_addr
    else
      do! grow_start <- op_lift (ok_or (checked_add usize_max old_addr aligned_old) EINVAL);
      do! m <- op_get id;
      if can_grow_at m grow_start (aligned_new - aligned_old) then
        let '(m', extended) := extend_mapping old_addr aligned_old aligned_new m in
        do! _ <- op_modify (fun _ => m');
        if extended then op_ret old_addr else op_err EFAULT
      else if has_flag f MREMAP_MAYMOVE then
        do! _ <- prepare_mremap_move mem old_addr aligned_old;
        do! new_addr <- mmap_anonymous mem 0 aligned_new 3 (Z.lor MAP_PRIVATE MAP_ANONYMOUS);
        if new_addr =? MAP_FAILED then op_err ENOMEM
        else do! _ <- munmap mem old_addr aligned_old; op_ret new_addr
      else op_err ENOMEM.

(** ** The memory section of a forked child (fork.rs)

    [pb], [d] and [rs] are the program break, the layout and the mapping records
    as they were decoded. *)
Fixpoint push_all (rs : list MappedRegion) : op (IoBuffer MappedRegion) unit :=
  match rs with
  | [] => op_ret tt
  | r :: rs => do! _ <- push r; push_all rs
  end.
Definition restore_memory (mem : Memory) (pb : Z) (d : MemoryLayoutMetadata) (rs : list MappedRegion)
    : option (result MemoryManager) :=
  let m := fst (set_brk pb (set_layout_metadata d new)) in
  if 4096 <? lenZ rs then Some (Err EINVAL)
  else
    match try_with_capacity region_size mem (lenZ rs) with
    | None => None
    | Some (Err e) => Some (Err e)
    | Some (Ok v) =>
        match push_all rs v with
        | Some (v, Ok _) => Some (Ok (set_mappings v m))
        | Some (_, Err e) => Some (Err e)
        | None => None
        end
    end.
End Methods.

(** ** Ranges *)

(** Non-empty ranges in address order, disjoint, from [lo] on. *)
Fixpoint sorted_from (lo : Z) (l : list (Z * Z)) : Prop :=
  match l with
  | [] => True
  | (a, n) :: l => lo <= a /\ 0 < n /\ a + n <= usize_max /\ sorted_from (a + n) l
  end.
Definition misses (x y : Z * Z) : Prop := fst x + snd x <= fst y \/ fst y + snd y <= fst x.

Lemma sorted_weaken lo lo' l : lo' <= lo -> sorted_from lo l -> sorted_from lo' l.
Proof. destruct l as [|[a n] l]; simpl; [done|]. intros H (? & ? & ? & ?). split_and!; try done. lia. Qed.

Lemma sorted_in lo l x : sorted_from lo l -> In x l -> lo <= fst x /\ 0 < snd x /\ fst x + snd x <= usize_max.
Proof.
  revert lo. induction l as [|[a n] l IH]; intros lo; simpl; [done|]. intros (? & ? & ? & Hs) [<-|Hin]; [done|].
  destruct (IH _ Hs Hin). split; [lia|done].
Qed.

Lemma insert_at_0 {A} (x : A) l : insert_at 0 x l = x :: l.
Proof. done. Qed.
Lemma insert_at_S {A} i (x y : A) l : insert_at (S i) x (y :: l) = y :: insert_at i x l.
Proof. done. Qed.

Section Insert.
Context {A : Type}.
Variable f : A -> Z * Z.
Definition place (x : A) (l : list A) : list A := insert_at (partition_point (fun y => fst (f y) <? fst (f x)) l) x l.

Lemma sorted_place lo x l : sorted_from lo (map f l) -> lo <= fst (f x) -> 0 < snd (f x) ->
  fst (f x) + snd (f x) <= usize_max -> (forall y, In y l -> misses (f x) (f y)) -> sorted_from lo (map f (place x l)).
Proof.
  unfold place. revert lo. induction l as [|y l IH]; intros lo Hs Hlo Hn He Hm.
  { simpl. destruct (f x) as [a n]. simpl in *. done. }
  simpl in Hs. destruct (f y) as [a n] eqn:Ey. destruct Hs as (H1 & H2 & H3 & Hs). simpl. rewrite Ey. simpl.
  assert (misses (f x) (f y)) as Hxy by (apply Hm; by left). unfold misses in Hxy. rewrite Ey in Hxy. simpl in Hxy.
  destruct (Z.ltb_spec a (fst (f x))).
  - rewrite insert_at_S. simpl. rewrite Ey. split_and!; try done. apply IH; try done; [lia|]. intros z Hz. apply Hm. by right.
  - rewrite insert_at_0. simpl. rewrite Ey. destruct (f x) as [b k]. simpl in *. split_and!; try done. lia.
Qed.

Lemma in_place x y l : In y (place x l) <-> y = x \/ In y l.
Proof. apply in_insert_at. Qed.
End Insert.

(** Two lists of ranges, each sorted and disjoint from the other, merge to a
    sorted list with the same ranges. *)
Definition pr (r : MappedRegion) : Z * Z := (addr r, len r).
Definition ps (s : ReservedRegion) : Z * Z := (raddr s, rlen s).
Definition apart (ms : list MappedRegion) (rs : list ReservedRegion) : Prop :=
  forall r s, In r ms -> In s rs -> misses (pr r) (ps s).

Lemma apart_tail_l r ms rs : apart (r :: ms) rs -> apart ms rs.
Proof. intros H ???. apply H. by right. Qed.
Lemma apart_tail_r ms s rs : apart ms (s :: rs) -> apart ms rs.
Proof. intros H ????. apply H; [done|by right]. Qed.

Lemma merged_spec ms rs lo : sorted_from lo (map pr ms) -> sorted_from lo (map ps rs) -> apart ms rs ->
  sorted_from lo (merged ms rs) /\ forall x, In x (merged ms rs) <-> In x (map pr ms) \/ In x (map ps rs).
Proof.
  revert rs lo. induction ms as [|r ms IH]; intros rs.
  { induction rs as [|s rs IHr]; intros lo Hm Hr Ha; simpl; [tauto|]. simpl in Hr. destruct Hr as (H1 & H2 & H3 & Hr).
    destruct (IHr (raddr s + rlen s)) as [S1 S2]; [done|done|by eapply apart_tail_r|]. simpl in S1, S2.
    split; [done|]. intros x. rewrite S2. simpl. unfold ps. tauto. }
  induction rs as [|s rs IHr]; intros lo Hm Hr Ha.
  { simpl in Hm. destruct Hm as (H1 & H2 & H3 & Hm). destruct (IH [] (addr r + len r)) as [S1 S2]; [done|done|by eapply apart_tail_l|].
    simpl. split; [done|]. intros x. rewrite S2. simpl. unfold pr. tauto. }
  simpl in Hm, Hr. destruct Hm as (M1 & M2 & M3 & Hm). destruct Hr as (R1 & R2 & R3 & Hr).
  assert (misses (pr r) (ps s)) as Hrs by (apply Ha; by left). unfold misses in Hrs. simpl in Hrs. cbn [merged].
  destruct (Z.leb_spec (addr r) (raddr s)).
  - destruct (IH (s :: rs) (addr r + len r)) as [S1 S2]; [done|simpl; split_and!; (lia || done)|by eapply apart_tail_l|].
    split; [simpl; done|]. intros x. cbn [In map]. rewrite S2. simpl. unfold pr. tauto.
  - destruct (IHr (raddr s + rlen s)) as [S1 S2]; [simpl; split_and!; (lia || done)|done|by eapply apart_tail_r|].
    cbn [merged] in S1, S2. split; [simpl; done|]. intros x. cbn [In map]. rewrite S2. simpl. unfold ps. tauto.
Qed.

(** A range hits a list when it misses not all of it. *)
Definition all_miss (x : Z * Z) (l : list (Z * Z)) : Prop := forall y, In y l -> misses x y.

Lemma gap_scan_spec needed limit l lo cursor : 0 < needed -> limit < usize_max -> sorted_from lo l ->
  (forall x, In x l -> fst x + snd x <= limit) ->
  match gap_scan cursor needed limit l with
  | Some c => cursor <= c /\ c + needed <= limit /\ all_miss (c, needed) l
      /\ forall c', cursor <= c' < c -> ~ all_miss (c', needed) l
  | None => forall c', cursor <= c' -> c' + needed <= limit -> ~ all_miss (c', needed) l
  end.
Proof.
  intros Hn Hlim. revert lo cursor. induction l as [|[a n] l IH]; intros lo cursor Hs Hl; simpl.
  { unfold saturating_add. destruct (Z.leb_spec (Z.min usize_max (cursor + needed)) limit); [|intros; lia].
    split_and!; [lia|lia|by intros y []|intros; lia]. }
  simpl in Hs. destruct Hs as (H1 & H2 & H3 & Hs). unfold saturating_add. rewrite Z.min_r by lia.
  set (next := if cursor <? a + n then a + n else cursor).
  assert (cursor <= next /\ a + n <= next) as [N1 N2] by (unfold next; destruct (Z.ltb_spec cursor (a + n)); lia).
  assert (next = cursor \/ next = a + n) as N3 by (unfold next; destruct (Z.ltb_spec cursor (a + n)); lia).
  specialize (IH (a + n) next Hs). specialize (IH (fun x Hx => Hl x (or_intror Hx))).
  assert (forall c', cursor <= c' < next -> a < c' + needed -> ~ all_miss (c', needed) ((a, n) :: l)) as Hhit.
  { intros c' Hc Ha Hm. destruct (Hm (a, n)) as [|]; [by left|simpl in *; lia..]. }
  assert (forall c', ~ all_miss (c', needed) l -> ~ all_miss (c', needed) ((a, n) :: l)) as Hmore.
  { intros c' H Hm. apply H. intros y Hy. apply Hm. by right. }
  assert (cursor <= a -> a - cursor < needed \/ needed <= a - cursor) as Hcmp by lia.
  destruct (Z.ltb_spec a cursor); [|destruct (Z.leb_spec needed (a - cursor))].
  2: { split_and!; [lia| |intros [b k] [[= <- <-]|Hin]; left; simpl|intros; lia].
       - pose proof (Hl (a, n) (or_introl eq_refl)). simpl in *. lia.
       - lia.
       - destruct (sorted_in _ _ _ Hs Hin). simpl in *. lia. }
  all: assert (forall c', cursor <= c' -> (next <= c' -> ~ all_miss (c', needed) l) -> ~ all_miss (c', needed) ((a, n) :: l))
    as Hrest by (intros c' Hc Hn'; destruct (decide (c' < next)); [apply Hhit; lia|apply Hmore, Hn'; lia]).
  all: destruct (gap_scan next needed limit l) as [c|]; [destruct IH as (I1 & I2 & I3 & I4)|].
  all: try (split_and!; [lia|done|intros [b k] [[= <- <-]|Hin]; [right; simpl; lia|by apply I3]|]).
  all: intros c' Hc; try (apply Hrest; [lia|intros; apply I4; lia]).
  all: intros Hc2; apply Hrest; [lia|intros; apply IH; lia].
Qed.

(** ** The address space as a map of bytes *)

Section Bytes.
Implicit Types (r : MappedRegion) (l : list MappedRegion).

Definition covers (b : Z) r : bool := (addr r <=? b) && (b <? addr r + len r).
(** Protection and flags of a byte. *)
Definition at_byte l (b : Z) : option (Z * Z) :=
  match List.find (covers b) l with Some r => Some (prot r, flags r) | None => None end.

Definition region_ok r : Prop := 0 <= addr r /\ 0 < len r /\ addr r + len r <= usize_max.
Definition regions_sorted l : Prop := sorted_from 0 (map pr l).

Lemma sorted_region lo l r : 0 <= lo -> sorted_from lo (map pr l) -> In r l -> region_ok r /\ lo <= addr r.
Proof.
  intros Hlo Hs Hin. destruct (sorted_in _ _ (pr r) Hs) as (H1 & H2 & H3); [by apply in_map|]. simpl in *.
  unfold region_ok. lia.
Qed.

Lemma sorted_regions_ok l : regions_sorted l -> Forall region_ok l.
Proof. intros H. apply Forall_forall. intros r Hr%list_elem_of_In. by eapply (sorted_region 0). Qed.

Lemma end_of_ok r : region_ok r -> end_of r = addr r + len r.
Proof. intros (?&?&?). unfold end_of, saturating_add. lia. Qed.

Lemma covers_spec b r : covers b r = true <-> addr r <= b < addr r + len r.
Proof. unfold covers. rewrite andb_true_iff, Z.leb_le, Z.ltb_lt. done. Qed.

Lemma at_byte_cons r l b : at_byte (r :: l) b = if covers b r then Some (prot r, flags r) else at_byte l b.
Proof. unfold at_byte. simpl. by destruct (covers b r). Qed.

Lemma at_byte_app l1 l2 b : at_byte (l1 ++ l2) b = match at_byte l1 b with Some x => Some x | None => at_byte l2 b end.
Proof. induction l1 as [|r l1 IH]; [done|]. rewrite <- app_comm_cons, !at_byte_cons. by destruct (covers b r). Qed.

Lemma at_byte_None l b : at_byte l b = None <-> forall r, In r l -> covers b r = false.
Proof.
  induction l as [|r l IH]; [by split|]. rewrite at_byte_cons. split.
  - destruct (covers b r) eqn:E; [done|]. intros H r' [<-|Hin]; [done|]. by apply IH.
  - intros H. rewrite (H r (or_introl eq_refl)). apply IH. intros r' Hin. apply H. by right.
Qed.

(** *** Carving a range out of the regions *)

Definition left_of (a : Z) r : list MappedRegion :=
  if addr r <? a then [mkRegion (addr r) (Z.min (end_of r) a - addr r) (prot r) (flags r)] else [].
Definition right_of (e : Z) r : list MappedRegion :=
  if e <? end_of r then [mkRegion (Z.max (addr r) e) (end_of r - Z.max (addr r) e) (prot r) (flags r)] else [].
Definition carve (a e : Z) l : list MappedRegion := flat_map (fun r => left_of a r ++ right_of e r) l.

Lemma carve_cons a e r l : carve a e (r :: l) = (left_of a r ++ right_of e r) ++ carve a e l.
Proof. done. Qed.

Lemma region_eta r n : n = len r -> mkRegion (addr r) n (prot r) (flags r) = r.
Proof. intros ->. by destruct r. Qed.

(** A region before the range, or after it, stays. *)
Lemma carve_before a e r : a <= e -> region_ok r -> end_of r <= a -> left_of a r ++ right_of e r = [r].
Proof.
  intros Hae Hr He. pose proof (end_of_ok r Hr) as E. destruct Hr as (? & ? & ?). unfold left_of, right_of.
  rewrite (proj2 (Z.ltb_lt _ _)), (proj2 (Z.ltb_ge _ _)) by lia. simpl. f_equal. apply region_eta. lia.
Qed.
Lemma carve_after a e r : a <= e -> region_ok r -> e <= addr r -> left_of a r ++ right_of e r = [r].
Proof.
  intros Hae Hr He. pose proof (end_of_ok r Hr) as E. destruct Hr as (? & ? & ?). unfold left_of, right_of.
  rewrite (proj2 (Z.ltb_ge _ _)), (proj2 (Z.ltb_lt _ _)) by lia. simpl. f_equal. rewrite Z.max_l by lia. apply region_eta. lia.
Qed.

Lemma carve_all_after a e lo l : a <= e -> e <= lo -> 0 <= lo -> sorted_from lo (map pr l) -> carve a e l = l.
Proof.
  intros Hae. revert lo. induction l as [|r l IH]; intros lo He H0 Hs; [done|]. rewrite carve_cons.
  destruct (sorted_region lo (r :: l) r H0 Hs) as [Hr Hlo]; [by left|]. rewrite carve_after by (done || lia).
  simpl in Hs. destruct Hs as (? & ? & ? & Hs). rewrite (IH (addr r + len r)); [done|lia..|done].
Qed.

Lemma sorted_carve a e lo l : a <= e -> 0 <= lo -> sorted_from lo (map pr l) -> sorted_from lo (map pr (carve a e l)).
Proof.
  intros Hae. revert lo. induction l as [|r l IH]; intros lo H0 Hs; [done|]. simpl in Hs. destruct Hs as (H1 & H2 & H3 & Hs).
  assert (region_ok r) as Hr by (unfold region_ok; lia). pose proof (end_of_ok r Hr) as E.
  rewrite carve_cons, map_app. specialize (IH (addr r + len r) ltac:(lia) Hs).
  unfold left_of, right_of.
  destruct (Z.ltb_spec (addr r) a), (Z.ltb_spec e (end_of r)); simpl; rewrite ?E in *;
    repeat match goal with |- _ /\ _ => split end; try lia; try (eapply sorted_weaken; [|exact IH]; lia).
Qed.

Lemma at_byte_carve a e l b : Forall region_ok l ->
  at_byte (carve a e l) b = if (a <=? b) && (b <? e) then None else at_byte l b.
Proof.
  induction 1 as [|r l Hr Hl IH]; [by destruct ((a <=? b) && (b <? e))|].
  rewrite carve_cons, at_byte_app, IH, at_byte_cons. pose proof (end_of_ok r Hr) as E.
  assert (at_byte (left_of a r ++ right_of e r) b
    = if covers b r && negb ((a <=? b) && (b <? e)) then Some (prot r, flags r) else None) as ->.
  { rewrite at_byte_app. unfold left_of, right_of, covers. rewrite E. destruct Hr as (? & ? & ?).
    destruct (Z.ltb_spec (addr r) a), (Z.ltb_spec e (addr r + len r)); rewrite ?at_byte_cons; unfold covers; simpl;
      repeat match goal with |- context [?x <=? ?y] => destruct (Z.leb_spec x y) | |- context [?x <? ?y] => destruct (Z.ltb_spec x y) end;
      simpl; try done; lia. }
  destruct (covers b r), ((a <=? b) && (b <? e)); done.
Qed.

(** *** The loops against the carved list *)

Definition hit (a e : Z) r : bool := overlap a e (addr r) (end_of r).

Lemma middle_lookup l1 r l2 : (l1 ++ r :: l2) !! length l1 = Some r.
Proof. by rewrite lookup_app_r, Nat.sub_diag by lia. Qed.

Lemma set_middle l1 r x l2 cap :
  set_region (length l1) x (mkIoBuffer (l1 ++ r :: l2) cap) = mkIoBuffer ((l1 ++ [x]) ++ l2) cap.
Proof. unfold set_region. simpl. rewrite insert_app_r_alt, Nat.sub_diag by lia. simpl. by rewrite <- app_assoc. Qed.

Lemma remove_middle l1 r l2 cap :
  remove_region (length l1) (mkIoBuffer (l1 ++ r :: l2) cap) = mkIoBuffer (l1 ++ l2) cap.
Proof.
  unfold remove_region, remove_at. simpl. rewrite take_app_length. f_equal. f_equal.
  by rewrite drop_app_ge, Nat.sub_succ_l, Nat.sub_diag by lia.
Qed.

Lemma app_snoc_length {A} (l : list A) x : length (l ++ [x]) = S (length l).
Proof. rewrite length_app. simpl. lia. Qed.

Lemma hit_before a e r : end_of r <= a -> hit a e r = false.
Proof. intros H. unfold hit, overlap. rewrite (proj2 (Z.ltb_ge _ _) H). done. Qed.

Lemma no_hit_after a e lo l : e <= lo -> 0 <= lo -> sorted_from lo (map pr l) -> existsb (hit a e) l = false.
Proof.
  intros He H0 Hs. apply not_true_is_false. rewrite existsb_exists. intros (r & Hin & Hh).
  destruct (sorted_region lo l r H0 Hs Hin) as [_ Hlo]. unfold hit, overlap in Hh.
  apply andb_true_iff in Hh as [_ Hh%Z.ltb_lt]. lia.
Qed.

Lemma munmap_loop_spec a e fuel l1 l2 lo found cap : a <= e -> 0 <= lo -> sorted_from lo (map pr l2) ->
  (length l2 <= fuel)%nat -> lenZ (l1 ++ carve a e l2) <= cap ->
  munmap_loop fuel a e (length l1) found (mkIoBuffer (l1 ++ l2) cap)
  = Some (mkIoBuffer (l1 ++ carve a e l2) cap, Ok (found || existsb (hit a e) l2)).
Proof.
  intros Hae. revert l1 l2 lo found. induction fuel as [|fuel IH]; intros l1 l2 lo found H0 Hs Hf Hc.
  { destruct l2; [|simpl in Hf; lia]. simpl. rewrite lookup_ge_None_2 by (rewrite app_nil_r; lia). by rewrite orb_false_r. }
  destruct l2 as [|r l2]. { simpl. rewrite lookup_ge_None_2 by (rewrite app_nil_r; lia). by rewrite orb_false_r. }
  destruct (sorted_region lo (r :: l2) r H0 Hs) as [Hr Hlo]; [by left|]. pose proof (end_of_ok r Hr) as E.
  simpl in Hs, Hf. destruct Hs as (_ & _ & _ & Hs). pose proof Hr as (R1 & R2 & R3).
  cbn [munmap_loop]. cbn [values]. rewrite middle_lookup. cbn [existsb]. rewrite carve_cons in Hc |- *.
  destruct (Z.leb_spec (end_of r) a) as [He|He].
  { rewrite carve_before in Hc |- * by done. rewrite hit_before by done. simpl orb.
    specialize (IH (l1 ++ [r]) l2 (addr r + len r) found). rewrite app_snoc_length, <- !app_assoc in IH. apply IH; (done || lia). }
  destruct (Z.leb_spec e (addr r)) as [Hee|Hee].
  { rewrite carve_after by (done || lia). rewrite (carve_all_after a e (addr r + len r)) by (done || lia). f_equal. f_equal. f_equal.
    rewrite (no_hit_after a e (addr r + len r)) by (done || lia). unfold hit, overlap.
    rewrite (proj2 (Z.ltb_ge (addr r) e)) by lia. by rewrite andb_false_r, !orb_false_r. }
  assert (hit a e r = true) as -> by (unfold hit, overlap; rewrite andb_true_iff, !Z.ltb_lt; lia).
  rewrite orb_true_l, orb_true_r.
  unfold left_of, right_of in Hc |- *. destruct (Z.ltb_spec (addr r) a) as [Ha|Ha], (Z.ltb_spec e (end_of r)) as [Hr2|Hr2].
  - rewrite Z.min_r by lia. rewrite Z.max_r by lia. rewrite Z.max_r, Z.min_r in Hc by lia.
    rewrite (carve_all_after a e (addr r + len r)) in Hc |- * by (done || lia).
    unfold op_bind, op_modify, op_ret. rewrite set_middle. unfold insert. cbn [values IoBuffer.capacity].
    rewrite <- (app_snoc_length l1 (mkRegion (addr r) (a - addr r) (prot r) (flags r))).
    set (x := mkRegion _ _ _ _) in *. set (y := mkRegion e _ _ _) in *.
    rewrite bool_decide_true by (rewrite !length_app; lia). rewrite (proj2 (Z.ltb_lt _ _)).
    2: { unfold IoBuffer.len. cbn [values IoBuffer.capacity]. rewrite !length_app in Hc |- *. simpl in *. lia. }
    simpl andb. cbv iota. unfold insert_at. rewrite take_app_length, drop_app_length. by rewrite <- !app_assoc.
  - rewrite Z.min_r in Hc |- * by lia. rewrite set_middle. set (x := mkRegion _ _ _ _) in *.
    specialize (IH (l1 ++ [x]) l2 (addr r + len r) true). rewrite app_snoc_length, <- !app_assoc in IH.
    rewrite <- app_assoc. cbn [app] in *. apply IH; (done || lia).
  - rewrite Z.max_r in Hc |- * by lia. rewrite (carve_all_after a e (addr r + len r)) by (done || lia).
    rewrite set_middle. by rewrite <- !app_assoc.
  - rewrite remove_middle. simpl app in *. specialize (IH l1 l2 (addr r + len r) true). apply IH; (done || lia).
Qed.

Lemma count_loop_spec a e l lo rem : a <= e -> 0 <= lo -> sorted_from lo (map pr l) ->
  count_loop a e l rem = Ok (rem + lenZ (carve a e l) - lenZ l) \/ count_loop a e l rem = Err ENOMEM.
Proof.
  intros Hae. revert lo rem. induction l as [|r l IH]; intros lo rem H0 Hs; [left; simpl; f_equal; lia|].
  destruct (sorted_region lo (r :: l) r H0 Hs) as [Hr Hlo]; [by left|]. pose proof (end_of_ok r Hr) as E.
  simpl in Hs. destruct Hs as (_ & _ & _ & Hs). pose proof Hr as (R1 & R2 & R3).
  assert (forall rem', count_loop a e l rem' = Ok (rem' + lenZ (carve a e l) - lenZ l) \/ count_loop a e l rem' = Err ENOMEM)
    as IH' by (intros rem'; apply (IH (addr r + len r)); (done || lia)).
  cbn [count_loop]. rewrite carve_cons. destruct (Z.leb_spec (end_of r) a) as [He|He].
  { rewrite carve_before by done. destruct (IH' rem) as [->| ->]; [left|by right]. simpl length. f_equal. lia. }
  destruct (Z.leb_spec e (addr r)) as [Hee|Hee].
  { rewrite carve_after by (done || lia). rewrite (carve_all_after a e (addr r + len r)) by (done || lia).
    left. simpl length. f_equal. lia. }
  unfold left_of, right_of.
  destruct (Z.leb_spec a (addr r)), (Z.leb_spec (end_of r) e), (Z.ltb_spec (addr r) a), (Z.ltb_spec e (end_of r)); try lia; simpl.
  - destruct (IH' (rem - 1)) as [->| ->]; [left|by right]. f_equal. lia.
  - destruct (IH' rem) as [->| ->]; [left|by right]. f_equal. lia.
  - destruct (IH' rem) as [->| ->]; [left|by right]. f_equal. lia.
  - unfold checked_add. destruct (Z.leb_spec (rem + 1) usize_max); simpl; [|by right].
    destruct (IH' (rem + 1)) as [->| ->]; [left|by right]. f_equal. lia.
Qed.
End Bytes.

(** ** Invariant *)

Section Invariant.
Implicit Types (m : MemoryManager) (r : MappedRegion).

(** The ranges in use. *)
Definition taken m (x : Z * Z) : Prop := In x (map pr (regions m)) \/ In x (map ps (reserves m)).
Definition clear_of m (x : Z * Z) : Prop := forall y, taken m y -> misses x y.
Definition heap m : Z * Z := (initial_brk m, program_break m - initial_brk m).

Record mem_ok m : Prop := {
  mo_maps_buf : buf_ok (mappings m);
  mo_res_buf : buf_ok (reserved_regions m);
  mo_maps : regions_sorted (regions m);
  mo_res : sorted_from 0 (map ps (reserves m));
  mo_apart : apart (regions m) (reserves m);
  mo_top : forall x, taken m x -> fst x + snd x <= max_addr m;
  mo_max : 0 <= max_addr m < usize_max;
  mo_break : 0 <= initial_brk m <= program_break m;
  mo_base : 0 <= mmap_base m;
  mo_data : 0 <= data_limit m;
  (** In the compact layout the heap belongs to [brk] alone. *)
  mo_heap : reserved_until m <> 0 -> initial_brk m < program_break m -> clear_of m (heap m) }.

Lemma misses_sym x y : misses x y <-> misses y x.
Proof. unfold misses. tauto. Qed.

(** A range inside another one misses what the other misses. *)
Definition inside (x y : Z * Z) : Prop := fst y <= fst x /\ fst x + snd x <= fst y + snd y.
Lemma misses_inside x y z : inside x y -> misses y z -> misses x z.
Proof. unfold inside, misses. lia. Qed.

Lemma carve_inside a e l r : Forall region_ok l -> a <= e -> In r (carve a e l) ->
  misses (a, e - a) (pr r) /\ exists r0, In r0 l /\ inside (pr r) (pr r0).
Proof.
  intros Hl Hae Hin. apply in_flat_map in Hin as (r0 & Hr0 & Hin).
  assert (region_ok r0) as Hok by (rewrite Forall_forall in Hl; apply Hl; by apply list_elem_of_In).
  pose proof (end_of_ok r0 Hok) as E. destruct Hok as (? & ? & ?). unfold left_of, right_of in Hin. apply in_app_iff in Hin.
  assert (misses (a, e - a) (pr r) /\ inside (pr r) (pr r0)) as [H1' H2']; [|eauto].
  destruct Hin as [Hin|Hin]; [destruct (Z.ltb_spec (addr r0) a)|destruct (Z.ltb_spec e (end_of r0))];
    simpl in Hin; try contradiction; destruct Hin as [<-|[]];
    unfold misses, inside; simpl; lia.
Qed.

(** *** The vectors *)

Definition with_room m (cap : Z) : MemoryManager := with_mappings m (mkIoBuffer (regions m) cap).

Lemma reserve_mappings mem want m : mem_ok m ->
  exists cap res, on_mappings (try_reserve region_size mem want) m = Some (with_room m cap, res)
    /\ IoBuffer.capacity (mappings m) <= cap
    /\ (res = Ok tt -> lenZ (regions m) + want <= cap)
    /\ forall e, res = Err e -> with_room m cap = m /\ (e = ENOMEM \/ e = EIO).
Proof.
  intros Hok. unfold on_mappings. destruct (try_reserve_spec region_size mem want (mappings m)) as (v & res & -> & Hv & Hc & Hw & He).
  exists (IoBuffer.capacity v), res. assert (with_mappings m v = with_room m (IoBuffer.capacity v)) as E.
  { unfold with_room, regions. rewrite <- Hv. by destruct v. }
  rewrite E. split; [done|]. split; [done|]. split; [done|]. intros e H. destruct (He e H) as [-> ?]. split; [|done].
  unfold with_room, regions. by destruct m as [[] ? ? ? ? ? ? ? ?].
Qed.

Lemma taken_maps m v x : taken (with_mappings m v) x <-> In x (map pr (values v)) \/ In x (map ps (reserves m)).
Proof. done. Qed.

(** Changing the mapped regions, when the new ones keep what the invariant says of them. *)
Lemma with_mappings_ok m v : mem_ok m -> buf_ok v -> regions_sorted (values v) ->
  (forall r, In r (values v) -> addr r + len r <= max_addr m /\ (forall s, In s (reserves m) -> misses (pr r) (ps s))
     /\ (reserved_until m <> 0 -> initial_brk m < program_break m -> misses (heap m) (pr r))) ->
  mem_ok (with_mappings m v).
Proof.
  intros [] Hb Hs Hr. split; simpl; try done.
  - intros r s' Hin Hs'. by apply (Hr r).
  - intros x [Hx|Hx]; [apply in_map_iff in Hx as (r & <- & Hin); by apply Hr|]. apply mo_top0. by right.
  - intros Hu Hp x [Hx|Hx]; [apply in_map_iff in Hx as (r & <- & Hin); by apply Hr|]. apply (mo_heap0 Hu Hp). by right.
Qed.

Lemma room_ok m cap : mem_ok m -> IoBuffer.capacity (mappings m) <= cap -> mem_ok (with_room m cap).
Proof.
  intros Hok Hc. pose proof Hok as []. apply with_mappings_ok; [done| |done|].
  - unfold buf_ok, IoBuffer.len, regions in *. simpl. lia.
  - intros r Hin. split_and!; [apply (mo_top0 (pr r)); left; by apply in_map|intros; by apply mo_apart0|].
    intros Hu Hp. apply (mo_heap0 Hu Hp). left. by apply in_map.
Qed.

Lemma carve_ok m a e cap : mem_ok m -> a <= e -> lenZ (carve a e (regions m)) <= cap ->
  mem_ok (with_mappings m (mkIoBuffer (carve a e (regions m)) cap)).
Proof.
  intros Hok Hae Hc. pose proof Hok as []. pose proof (sorted_regions_ok _ mo_maps0) as Hl.
  apply with_mappings_ok; [done|done|by apply sorted_carve|]. simpl. intros r Hin.
  destruct (carve_inside a e (regions m) r Hl Hae Hin) as (_ & r0 & Hr0 & Hi).
  split_and!.
  - pose proof (mo_top0 (pr r0) (or_introl (in_map _ _ _ Hr0))). unfold inside in Hi. simpl in *. lia.
  - intros s Hs. eapply misses_inside; [exact Hi|]. by apply mo_apart0.
  - intros Hu Hp. apply misses_sym. eapply misses_inside; [exact Hi|]. apply misses_sym, (mo_heap0 Hu Hp). left. by apply in_map.
Qed.

Lemma insert_region_spec m r : mem_ok m -> region_ok r -> addr r + len r <= max_addr m -> clear_of m (pr r) ->
  (reserved_until m <> 0 -> initial_brk m < program_break m -> misses (heap m) (pr r)) ->
  lenZ (regions m) + 1 <= IoBuffer.capacity (mappings m) ->
  let m' := with_mappings m (mkIoBuffer (place pr r (regions m)) (IoBuffer.capacity (mappings m))) in
  insert_region r m = Some (m', Ok tt) /\ mem_ok m'.
Proof.
  intros Hok Hr Ht Hc Hh Hcap m'. pose proof Hok as []. split.
  - unfold insert_region, on_mappings, insert. unfold IoBuffer.len. fold (regions m).
    rewrite (proj2 (Z.ltb_lt _ _)) by lia. rewrite bool_decide_true by apply partition_point_le. done.
  - destruct Hr as (R1 & R2 & R3). apply with_mappings_ok; [done|..].
    + unfold buf_ok, IoBuffer.len. simpl. unfold place. rewrite length_insert_at. lia.
    + simpl. apply sorted_place; try done. intros y Hy. apply Hc. left. by apply in_map.
    + simpl. intros y [->|Hin]%in_place.
      * split_and!; [done|intros s Hs; apply Hc; right; by apply in_map|done].
      * split_and!; [apply (mo_top0 (pr y)); left; by apply in_map|intros s Hs; by apply mo_apart0|].
        intros Hu Hp. apply (mo_heap0 Hu Hp). left. by apply in_map.
Qed.

Lemma at_byte_place l r b : (forall y, In y l -> misses (pr r) (pr y)) ->
  at_byte (place pr r l) b = if covers b r then Some (prot r, flags r) else at_byte l b.
Proof.
  intros Hm. unfold place, insert_at. set (k := partition_point _ _).
  rewrite at_byte_app, at_byte_cons. destruct (covers b r) eqn:E.
  - assert (at_byte (take k l) b = None) as ->; [|done]. apply at_byte_None. intros y Hy.
    assert (misses (pr r) (pr y)) as Hy' by (apply Hm; rewrite <- (firstn_skipn k l); apply in_app_iff; by left).
    apply covers_spec in E. unfold misses in Hy'. simpl in Hy'. apply not_true_is_false. rewrite covers_spec. lia.
  - by rewrite <- at_byte_app, take_drop.
Qed.

(** *** Unmapping *)

Lemma page_down_spec v : page_down v = 65536 * (v / 65536).
Proof. unfold page_down. change 65535 with (Z.ones 16). rewrite Z.ldiff_ones_r, Z.shiftl_mul_pow2, Z.shiftr_div_pow2 by lia. change (2 ^ 16) with 65536. lia. Qed.

Lemma page_len_spec n k : 0 < n -> page_len n = Some k -> n <= k /\ k < n + 65536 /\ k mod 65536 = 0 /\ 0 < k <= usize_max.
Proof.
  intros Hn. unfold page_len. destruct (checked_add_cases usize_max n 65535) as [[-> Hw]|[-> _]]; simpl; [|done].
  intros [= <-]. rewrite page_down_spec. pose proof (Z.div_mod (n + 65535) 65536 ltac:(lia)).
  pose proof (Z.mod_pos_bound (n + 65535) 65536 ltac:(lia)). rewrite Z.mul_comm, Z.mod_mul by lia. lia.
Qed.

Lemma page_len_id n : 0 < n -> n mod 65536 = 0 -> n + 65535 <= usize_max -> page_len n = Some n.
Proof.
  intros Hn Hm Hw. unfold page_len, checked_add. rewrite (proj2 (Z.leb_le _ _) Hw). simpl. rewrite page_down_spec. f_equal.
  apply Z.div_exact in Hm; [|lia]. rewrite Hm at 1. rewrite (Z.mul_comm 65536 (n / 65536)), Z.div_add_l by lia.
  change (65535 / 65536) with 0. lia.
Qed.

Definition stop (a n : Z) : Z := saturating_add usize_max a n.
Lemma stop_ge a n : a <= usize_max -> 0 <= n -> a <= stop a n.
Proof. unfold stop, saturating_add. lia. Qed.

Definition unmapped m (a e : Z) : MemoryManager :=
  with_mappings m (mkIoBuffer (carve a e (regions m)) (IoBuffer.capacity (mappings m))).

Lemma munmap_prepared_spec m a n : mem_ok m -> a <= stop a n -> lenZ (carve a (stop a n) (regions m)) <= IoBuffer.capacity (mappings m) ->
  munmap_prepared a n m = Some (unmapped m a (stop a n), Ok (existsb (hit a (stop a n)) (regions m)))
  /\ mem_ok (unmapped m a (stop a n)).
Proof.
  intros Hok Hae Hc. split; [|by apply carve_ok]. unfold munmap_prepared, on_mappings. fold (stop a n).
  pose proof (munmap_loop_spec a (stop a n) (length (regions m)) [] (regions m) 0 false (IoBuffer.capacity (mappings m)) Hae) as H.
  simpl in H. assert (mkIoBuffer (regions m) (IoBuffer.capacity (mappings m)) = mappings m) as E by (unfold regions; by destruct (mappings m)).
  rewrite E in H. rewrite H; [done|lia|apply Hok|lia|done].
Qed.

Lemma count_spec m a n : mem_ok m -> a <= stop a n -> n <> 0 ->
  mapping_count_after_unmap m a n = Ok (lenZ (carve a (stop a n) (regions m))) \/ mapping_count_after_unmap m a n = Err ENOMEM.
Proof.
  intros Hok Hae Hn. unfold mapping_count_after_unmap. rewrite (proj2 (Z.eqb_neq _ _) Hn). fold (stop a n).
  destruct (count_loop_spec a (stop a n) (regions m) 0 (lenZ (regions m)) Hae) as [->| ->]; [lia|apply Hok|left; f_equal; lia|by right].
Qed.

Lemma with_room_regions m cap : regions (with_room m cap) = regions m.
Proof. done. Qed.
Lemma with_room_id m : with_room m (IoBuffer.capacity (mappings m)) = m.
Proof. unfold with_room, regions. by destruct m as [[] ? ? ? ? ? ? ? ?]. Qed.

Lemma prepare_change_spec mem m a n k : mem_ok m -> a <= stop a n -> n <> 0 -> 0 <= k ->
  exists cap res, prepare_mapping_change mem a n k m = Some (with_room m cap, res) /\ mem_ok (with_room m cap)
    /\ (res = Ok tt -> Z.max (lenZ (carve a (stop a n) (regions m))) (lenZ (regions m)) + k <= cap)
    /\ forall e, res = Err e -> with_room m cap = m /\ (e = ENOMEM \/ e = EIO).
Proof.
  intros Hok Hae Hn Hk. unfold prepare_mapping_change, op_get, id. cbn [op_bind].
  assert (forall e, e = ENOMEM -> exists cap res, Some (m, @Err unit e) = Some (with_room m cap, res) /\ mem_ok (with_room m cap)
    /\ (res = Ok tt -> Z.max (lenZ (carve a (stop a n) (regions m))) (lenZ (regions m)) + k <= cap)
    /\ forall e, res = Err e -> with_room m cap = m /\ (e = ENOMEM \/ e = EIO)) as Herr.
  { intros e ->. exists (IoBuffer.capacity (mappings m)), (Err ENOMEM). rewrite with_room_id. split_and!; try done.
    intros e [= <-]. auto. }
  unfold op_bind, op_lift. destruct (count_spec m a n Hok Hae Hn) as [->| ->]; [|by apply Herr].
  set (c := lenZ (carve a (stop a n) (regions m))).
  destruct (checked_add_cases usize_max (Z.max c (lenZ (regions m))) k) as [[-> Hw]|[-> _]]; simpl; [|by apply Herr].
  destruct (reserve_mappings mem (Z.max c (lenZ (regions m)) + k - lenZ (regions m)) m Hok) as (cap & res & -> & Hcap & Hr & He).
  exists cap, res. split; [done|]. split; [by apply room_ok|]. split; [intros Hres; specialize (Hr Hres); lia|done].
Qed.

(** What unmapping does, on every branch. *)
Lemma munmap_spec mem m a n : mem_ok m -> 0 <= a <= usize_max -> 0 <= n ->
  exists m' res, munmap mem a n m = Some (m', res) /\ mem_ok m'
    /\ match (if n =? 0 then None else page_len n), res with
       | None, Ok found => m' = m /\ found = false
       | Some k, Ok found => exists cap, m' = unmapped (with_room m cap) a (stop a k)
                               /\ found = existsb (hit a (stop a k)) (regions m)
       | Some _, Err e => m' = m /\ (e = ENOMEM \/ e = EIO)
       | None, Err _ => False
       end.
Proof.
  intros Hok Ha Hn. unfold munmap. destruct (Z.eqb_spec n 0); [by exists m, (Ok false)|].
  destruct (page_len n) as [k|] eqn:Ek; [|by exists m, (Ok false)].
  destruct (page_len_spec n k ltac:(lia) Ek) as (K1 & K2 & _ & K3).
  assert (a <= stop a k) as Hae by (apply stop_ge; lia). unfold prepare_munmap.
  destruct (prepare_change_spec mem m a k 0 Hok Hae) as (cap & [[]|e] & E & H1 & Hr & He); [lia..| |].
  - rewrite (bind_ok _ _ _ _ _ E). specialize (Hr eq_refl).
    destruct (munmap_prepared_spec (with_room m cap) a k H1 Hae) as [-> H2]; [simpl; rewrite with_room_regions; lia|].
    eexists _, _. split; [done|]. split; [done|]. by exists cap.
  - rewrite (bind_err _ _ _ _ _ E). eexists _, _. split; [done|]. split; [done|]. by apply He.
Qed.

(** *** Queries and the first fit *)

Lemma overlap_false a e s t : overlap a e s t = false <-> t <= a \/ e <= s.
Proof. unfold overlap. rewrite andb_false_iff, !Z.ltb_ge. done. Qed.

Lemma overlaps_mappings_false m a n : mem_ok m -> overlaps_mappings m a n = false ->
  a + n <= usize_max /\ forall r, In r (regions m) -> misses (a, n) (pr r).
Proof.
  intros Hok. unfold overlaps_mappings. destruct (checked_add_cases usize_max a n) as [[-> Hw]|[-> _]]; [|done].
  intros H. split; [done|]. intros r Hin. rewrite <- not_true_iff_false, existsb_exists in H.
  destruct (overlap a (a + n) (addr r) (end_of r)) eqn:E; [destruct H; eauto|]. apply overlap_false in E.
  destruct (sorted_region 0 (regions m) r ltac:(lia) (mo_maps _ Hok) Hin) as [Hr _]. rewrite end_of_ok in E by done.
  unfold misses. simpl. lia.
Qed.

Lemma reserved_region_ok m s : mem_ok m -> In s (reserves m) -> 0 <= raddr s /\ 0 < rlen s /\ raddr s + rlen s <= usize_max.
Proof. intros Hok Hin. apply (sorted_in 0 _ (ps s) (mo_res _ Hok)). by apply in_map. Qed.

Lemma overlaps_reserved_false m a n : mem_ok m -> overlaps_reserved_regions m a n = false ->
  a + n <= usize_max /\ forall s, In s (reserves m) -> misses (a, n) (ps s).
Proof.
  intros Hok. unfold overlaps_reserved_regions. destruct (checked_add_cases usize_max a n) as [[-> Hw]|[-> _]]; [|done].
  intros H. split; [done|]. intros s Hin. rewrite <- not_true_iff_false, existsb_exists in H.
  destruct (overlap a (a + n) (raddr s) (rend_of s)) eqn:E; [destruct H; eauto|]. apply overlap_false in E.
  destruct (reserved_region_ok m s Hok Hin) as (? & ? & ?). unfold rend_of, saturating_add in E. rewrite Z.min_r in E by lia.
  unfold misses. simpl. lia.
Qed.

Lemma brk_heap_false m a n : mem_ok m -> overlaps_brk_heap m a n = false -> initial_brk m < program_break m ->
  misses (heap m) (a, n).
Proof.
  intros Hok H Hp. unfold overlaps_brk_heap in H. rewrite (proj2 (Z.leb_gt _ _) Hp) in H.
  destruct (checked_add_cases usize_max a n) as [[E _]|[E _]]; rewrite E in H; [|done]. apply overlap_false in H.
  unfold misses, heap. simpl. lia.
Qed.

Lemma can_grow_spec m a n : mem_ok m -> can_grow_at m a n = true ->
  a + n <= max_addr m /\ clear_of m (a, n)
  /\ (reserved_until m <> 0 -> initial_brk m < program_break m -> misses (heap m) (a, n)).
Proof.
  intros Hok. unfold can_grow_at. destruct (checked_add_cases usize_max a n) as [[Ec Hw]|[-> _]]; [rewrite Ec|done].
  destruct (Z.ltb_spec (max_addr m) (a + n)); [done|]. destruct (overlaps_host_control m a n); [done|].
  destruct (overlaps_reserved_prefix m a n); [done|]. destruct (overlaps_reserved_regions m a n) eqn:Er; [done|].
  destruct (negb (reserved_until m =? 0) && overlaps_brk_heap m a n) eqn:Eh; [done|]. intros Hm%negb_true_iff.
  split; [done|]. split.
  - intros y [Hy|Hy]; apply in_map_iff in Hy as (z & <- & Hz).
    + apply (overlaps_mappings_false m a n Hok); [|done]. unfold overlaps_mappings. by rewrite Ec.
    + by apply (overlaps_reserved_false m a n Hok Er).
  - intros Hu Hp. apply (brk_heap_false m a n Hok); [|done]. apply andb_false_iff in Eh as [Eh|Eh]; [|done].
    apply negb_false_iff, Z.eqb_eq in Eh. done.
Qed.

(** The window of the automatic placement. *)
Definition base_of m : Z := Z.max (mmap_base m) (program_break m).

Lemma find_gap_spec m n : mem_ok m -> 0 < n ->
  match find_gap m n with
  | Some a => base_of m <= a /\ a + n <= max_addr m /\ clear_of m (a, n)
      /\ forall a', base_of m <= a' < a -> ~ clear_of m (a', n)
  | None => forall a', base_of m <= a' -> a' + n <= max_addr m -> ~ clear_of m (a', n)
  end.
Proof.
  intros Hok Hn. pose proof Hok as []. destruct (merged_spec (regions m) (reserves m) 0 mo_maps0 mo_res0 mo_apart0) as [Hs Hin].
  assert (forall x, clear_of m x <-> all_miss x (merged (regions m) (reserves m))) as Hc.
  { intros x. unfold clear_of, all_miss, taken. setoid_rewrite Hin. done. }
  unfold find_gap. fold (base_of m).
  pose proof (gap_scan_spec n (max_addr m) _ 0 (base_of m) Hn ltac:(lia) Hs) as H.
  destruct (gap_scan _ _ _ _) as [a|]; setoid_rewrite Hc; apply H; intros x Hx; apply mo_top0; by apply Hin.
Qed.

(** *** Mapping *)

(** The bytes of the new region, over what was there. *)
Definition mapped_over (l l' : list MappedRegion) (a n p f : Z) : Prop :=
  forall b, at_byte l' b = if (a <=? b) && (b <? a + n) then Some (p, f) else at_byte l b.

(** Everything but the mapped regions. *)
Definition frame m m' : Prop :=
  reserved_regions m' = reserved_regions m /\ program_break m' = program_break m /\ data_limit m' = data_limit m
  /\ layout_metadata m' = layout_metadata m.
Lemma frame_refl m v : frame m (with_mappings m v).
Proof. done. Qed.

Lemma map_fixed_spec mem m a k p f : mem_ok m -> 0 <= a -> 0 < k -> a + k <= max_addr m ->
  (forall s, In s (reserves m) -> misses (a, k) (ps s)) ->
  (reserved_until m <> 0 -> initial_brk m < program_break m -> misses (heap m) (a, k)) ->
  forall want, want = Z.max (lenZ (carve a (stop a k) (regions m)) + 1) (lenZ (regions m)) - lenZ (regions m) ->
  exists m' x, op_match (on_mappings (try_reserve region_size mem want))
                 (fun _ => do! _ <- munmap_prepared a k; do! _ <- insert_region (mkRegion a k p f); op_ret a)
                 (fun _ => op_ret MAP_FAILED) m = Some (m', Ok x)
    /\ mem_ok m' /\ frame m m'
    /\ (x = MAP_FAILED /\ m' = m \/ x = a /\ mapped_over (regions m) (regions m') a k p f).
Proof.
  intros Hok Ha Hk Ht Hs Hh want ->. pose proof Hok as [? ? Hsort ? ? ? Hmax ? ? ? ?].
  assert (stop a k = a + k) as Es by (unfold stop, saturating_add; lia). unfold op_match.
  destruct (reserve_mappings mem (Z.max (lenZ (carve a (stop a k) (regions m)) + 1) (lenZ (regions m)) - lenZ (regions m)) m Hok)
    as (cap & [[]|e] & -> & Hcap & Hr & He).
  2: { destruct (He e eq_refl) as [-> _]. exists m, MAP_FAILED. by split_and!; auto. }
  specialize (Hr eq_refl). pose proof (room_ok m cap Hok Hcap) as H1.
  destruct (munmap_prepared_spec (with_room m cap) a k H1) as [E2 H2]; [lia|simpl; rewrite with_room_regions; lia|].
  rewrite (bind_ok _ _ _ _ _ E2). rewrite with_room_regions in E2.
  set (m2 := unmapped (with_room m cap) a (stop a k)) in *. set (r := mkRegion a k p f).
  assert (forall y, In y (carve a (stop a k) (regions m)) -> misses (pr r) (pr y)) as Hmiss.
  { intros y Hy. destruct (carve_inside a (stop a k) (regions m) y (sorted_regions_ok _ Hsort) ltac:(lia) Hy) as [Hm _].
    rewrite Es in Hm. by replace (a + k - a) with k in Hm by lia. }
  destruct (insert_region_spec m2 r H2) as [E3 H3].
  - unfold region_ok. simpl. lia.
  - simpl. lia.
  - intros y [Hy|Hy]; apply in_map_iff in Hy as (z & <- & Hz); [by apply Hmiss|by apply Hs].
  - done.
  - change (lenZ (carve a (stop a k) (regions m)) + 1 <= cap). lia.
  - rewrite (bind_ok _ _ _ _ _ E3). eexists _, a. split; [reflexivity|]. split; [exact H3|]. split; [done|]. right.
    split; [done|]. intros b. cbn [regions mappings with_mappings values].
    change (regions m2) with (carve a (stop a k) (regions m)). rewrite at_byte_place by done.
    rewrite at_byte_carve by (by apply sorted_regions_ok). unfold covers. simpl. rewrite Es.
    by destruct ((a <=? b) && (b <? a + k)).
Qed.

Lemma map_free_spec mem m a k p f : mem_ok m -> 0 <= a -> 0 < k -> a + k <= max_addr m -> clear_of m (a, k) ->
  (reserved_until m <> 0 -> initial_brk m < program_break m -> misses (heap m) (a, k)) ->
  exists m' x, op_match (on_mappings (try_reserve region_size mem 1))
                 (fun _ => do! _ <- insert_region (mkRegion a k p f); op_ret a) (fun _ => op_ret MAP_FAILED) m = Some (m', Ok x)
    /\ mem_ok m' /\ frame m m'
    /\ (x = MAP_FAILED /\ m' = m \/ x = a /\ mapped_over (regions m) (regions m') a k p f
          /\ forall y, In y (regions m') -> y = mkRegion a k p f \/ In y (regions m)).
Proof.
  intros Hok Ha Hk Ht Hc Hh. pose proof (mo_max _ Hok). unfold op_match.
  destruct (reserve_mappings mem 1 m Hok) as (cap & [[]|e] & -> & Hcap & Hr & He).
  2: { destruct (He e eq_refl) as [-> _]. exists m, MAP_FAILED. by split_and!; auto. }
  specialize (Hr eq_refl). pose proof (room_ok m cap Hok Hcap) as H1. set (r := mkRegion a k p f).
  destruct (insert_region_spec (with_room m cap) r H1) as [E2 H2]; try done; [unfold region_ok; simpl; lia|].
  rewrite (bind_ok _ _ _ _ _ E2). eexists _, a. split; [reflexivity|]. split; [exact H2|]. split; [done|]. right.
  split; [done|]. split; [|intros y Hy; by apply (in_place pr r y (regions m)) in Hy].
  intros b. cbn [regions mappings with_mappings values]. rewrite with_room_regions.
  rewrite at_byte_place; [done|]. intros y Hy. apply Hc. left. by apply in_map.
Qed.

Definition is_fixed (hint f : Z) : bool := negb (hint =? 0) && has_flag f MAP_FIXED.

Lemma heap_below m a n : base_of m <= a -> 0 <= n -> misses (heap m) (a, n).
Proof. unfold base_of, misses, heap. simpl. lia. Qed.

Lemma mmap_spec mem m hint n p f : mem_ok m -> 0 <= hint <= usize_max -> 0 <= n ->
  exists m' x, mmap_anonymous mem hint n p f m = Some (m', Ok x) /\ mem_ok m' /\ frame m m'
    /\ (x = MAP_FAILED /\ m' = m
        \/ exists k, page_len n = Some k /\ n <= k /\ 0 <= x /\ x + k <= max_addr m
             /\ mapped_over (regions m) (regions m') x k p f
             /\ (forall s, In s (reserves m) -> misses (x, k) (ps s))
             /\ if is_fixed hint f then x = hint
                else base_of m <= x /\ clear_of m (x, k)
                  /\ forall y, In y (regions m') -> y = mkRegion x k p f \/ In y (regions m)).
Proof.
  intros Hok Hh Hn. unfold mmap_anonymous. fold (is_fixed hint f).
  assert (exists m' x, Some (m, Ok MAP_FAILED) = Some (m', Ok x) /\ mem_ok m' /\ frame m m'
    /\ (x = MAP_FAILED /\ m' = m \/ False)) as Hfail by (exists m, MAP_FAILED; by split_and!; auto).
  assert (forall m' x, (x = MAP_FAILED /\ m' = m \/ False) -> x = MAP_FAILED /\ m' = m) as Hf by tauto.
  destruct (Z.eqb_spec n 0) as [->|Hn0]. { destruct Hfail as (m' & x & ? & ? & ? & ?%Hf). eauto 10. }
  destruct (page_len n) as [k|] eqn:Ek. 2: { destruct Hfail as (m' & x & ? & ? & ? & ?%Hf). eauto 10. }
  destruct (page_len_spec n k ltac:(lia) Ek) as (K1 & K2 & K3 & K4). pose proof (mo_max _ Hok) as Hmax.
  pose proof (mo_base _ Hok). pose proof (mo_break _ Hok).
  destruct (is_fixed hint f) eqn:Ef.
  - destruct (_ || _) eqn:Ec. { destruct Hfail as (m' & x & ? & ? & ? & ?%Hf). eauto 10. }
    apply orb_false_iff in Ec as [Ec Ec5]. apply orb_false_iff in Ec as [Ec Ec4]. apply orb_false_iff in Ec as [Ec Ec3].
    apply orb_false_iff in Ec as [Ec1 Ec2]. apply Z.ltb_ge in Ec1.
    assert (hint + k <= max_addr m) as Htop by (unfold saturating_add in Ec1; lia).
    assert (stop hint k = hint + k) as Es by (unfold stop, saturating_add; lia).
    destruct (overlaps_reserved_false m hint k Hok Ec3) as [_ Hres].
    destruct (count_spec m hint k Hok) as [->| ->]; [lia..| |destruct Hfail as (m' & x & ? & ? & ? & ?%Hf); eauto 10].
    destruct (checked_add_cases usize_max (lenZ (carve hint (stop hint k) (regions m))) 1) as [[-> _]|[-> _]];
      [|destruct Hfail as (m' & x & ? & ? & ? & ?%Hf); eauto 10].
    destruct (map_fixed_spec mem m hint k p f Hok) with (want :=
      Z.max (lenZ (carve hint (stop hint k) (regions m)) + 1) (lenZ (regions m)) - lenZ (regions m))
      as (m' & x & E & H1 & H2 & H3); try done; [lia..| |].
    + intros Hu Hp. apply (brk_heap_false m hint k Hok); [|done]. apply andb_false_iff in Ec5 as [Eu|]; [|done].
      apply negb_false_iff, Z.eqb_eq in Eu. done.
    + exists m', x. split; [exact E|]. split; [done|]. split; [done|]. destruct H3 as [?|[-> H3]]; [by left|right].
      exists k. by split_and!; [done|lia..|done|done|].
  - set (rounded := page_down hint).
    assert (exists o, (if (Z.max (mmap_base m) (program_break m) <=? rounded) && can_grow_at m rounded k
                       then Some rounded else None) = o
              /\ match (match o with Some a => Some a | None => find_gap m k end) with
                 | Some a => base_of m <= a /\ a + k <= max_addr m /\ clear_of m (a, k)
                 | None => True
                 end) as (o & -> & Ho).
    { eexists. split; [reflexivity|]. destruct (Z.leb_spec (Z.max (mmap_base m) (program_break m)) rounded); simpl.
      - destruct (can_grow_at m rounded k) eqn:Eg; [destruct (can_grow_spec m rounded k Hok Eg) as (? & ? & _); done|].
        pose proof (find_gap_spec m k Hok ltac:(lia)). destruct (find_gap m k); tauto.
      - pose proof (find_gap_spec m k Hok ltac:(lia)). destruct (find_gap m k); tauto. }
    destruct (match o with Some a => Some a | None => find_gap m k end) as [a|].
    2: { destruct Hfail as (m' & x & ? & ? & ? & ?%Hf). eauto 10. }
    destruct Ho as (O1 & O2 & O3). unfold base_of in O1.
    destruct (map_free_spec mem m a k p f Hok) as (m' & x & E & H1 & H2 & H3); try done; [lia..|intros; apply heap_below; unfold base_of; lia|].
    exists m', x. split; [exact E|]. split; [done|]. split; [done|]. destruct H3 as [?|(-> & H3 & H4)]; [by left|right].
    exists k. split_and!; [done|lia..|done| |done|done|done]. intros s Hs. apply O3. right. by apply in_map.
Qed.

(** *** Host regions *)

Lemma with_reserved_ok m v : mem_ok m -> buf_ok v -> sorted_from 0 (map ps (values v)) ->
  (forall s, In s (values v) -> raddr s + rlen s <= max_addr m /\ (forall r, In r (regions m) -> misses (pr r) (ps s))
     /\ (reserved_until m <> 0 -> initial_brk m < program_break m -> misses (heap m) (ps s))) ->
  mem_ok (with_reserved m v).
Proof.
  intros [] Hb Hs Hr. split; simpl; try done.
  - intros r s' Hin Hs'. by apply (Hr s').
  - intros x [Hx|Hx]; [apply mo_top0; by left|]. apply in_map_iff in Hx as (r & <- & Hin). by apply Hr.
  - intros Hu Hp x [Hx|Hx]; [apply (mo_heap0 Hu Hp); by left|]. apply in_map_iff in Hx as (r & <- & Hin). by apply Hr.
Qed.

Lemma reserve_at_spec mem m a k : mem_ok m -> 0 <= a -> 0 < k -> a + k <= max_addr m -> clear_of m (a, k) ->
  (reserved_until m <> 0 -> initial_brk m < program_break m -> misses (heap m) (a, k)) ->
  exists m' x, reserve_at mem a k m = Some (m', Ok x) /\ mem_ok m' /\ mappings m' = mappings m
    /\ (x = MAP_FAILED /\ m' = m \/ x = a /\ forall s, In s (reserves m') <-> s = mkReserved a k \/ In s (reserves m)).
Proof.
  intros Hok Ha Hk Ht Hc Hh. pose proof (mo_max _ Hok). unfold reserve_at, op_match, on_reserved.
  destruct (try_reserve_spec reserved_size mem 1 (reserved_regions m)) as (v & [[]|e] & -> & Hv & Hcap & Hw & He).
  2: { destruct (He e eq_refl) as [-> _]. assert (with_reserved m (reserved_regions m) = m) as -> by (by destruct m).
       exists m, MAP_FAILED. by split_and!; auto. }
  specialize (Hw eq_refl). set (s := mkReserved a k).
  unfold insert_reserved, on_reserved, insert. cbn [op_bind]. unfold op_bind, op_ret.
  change (reserves (with_reserved m v)) with (values v). change (reserved_regions (with_reserved m v)) with v.
  unfold IoBuffer.len in *. rewrite Hv. fold (reserves m) in *.
  rewrite (proj2 (Z.ltb_lt _ _)) by lia. rewrite bool_decide_true by apply partition_point_le. simpl andb. cbv iota.
  fold (place ps s (reserves m)).
  eexists _, a. split; [reflexivity|]. split; [|split; [done|right; split; [done|]; intros s'; apply (in_place ps s s' (reserves m))]].
  apply with_reserved_ok; [apply with_reserved_ok; try apply Hok|..]; cbn [values].
  - unfold buf_ok, IoBuffer.len. rewrite Hv. fold (reserves m). lia.
  - rewrite Hv. apply Hok.
  - rewrite Hv. intros s' Hs'. split_and!; [apply (mo_top _ Hok (ps s')); right; by apply in_map|intros; by apply (mo_apart _ Hok)|].
    intros Hu Hp. apply (mo_heap _ Hok Hu Hp). right. by apply in_map.
  - unfold buf_ok, IoBuffer.len, place. cbn [values IoBuffer.capacity]. rewrite length_insert_at. lia.
  - apply (sorted_place ps 0 s (reserves m)); try done; [apply Hok|simpl; lia|]. intros y Hy. apply Hc. right. by apply in_map.
  - intros s' Hs'. apply (in_place ps s s' (reserves m)) in Hs' as [->|Hs'].
    + split_and!; [done|intros r Hr; apply misses_sym, Hc; left; by apply in_map|done].
    + split_and!; [apply (mo_top _ Hok (ps s')); right; by apply in_map|intros; by apply (mo_apart _ Hok)|].
      intros Hu Hp. apply (mo_heap _ Hok Hu Hp). right. by apply in_map.
Qed.

(** Both ways to reserve: the new region was free. *)
Definition reserve_result m m' (x : Z) : Prop :=
  mem_ok m' /\ mappings m' = mappings m
  /\ (x = MAP_FAILED /\ m' = m
      \/ exists k, 0 < k /\ clear_of m (x, k) /\ x + k <= max_addr m
           /\ forall s, In s (reserves m') <-> s = mkReserved x k \/ In s (reserves m)).

Lemma reserve_result_failed m : mem_ok m -> reserve_result m m MAP_FAILED.
Proof. intros H. split_and!; auto. Qed.

Lemma reserve_result_at mem m a k : mem_ok m -> 0 <= a -> 0 < k -> a + k <= max_addr m -> clear_of m (a, k) ->
  (reserved_until m <> 0 -> initial_brk m < program_break m -> misses (heap m) (a, k)) ->
  exists m' x, reserve_at mem a k m = Some (m', Ok x) /\ reserve_result m m' x.
Proof.
  intros G1 G2 G3 G4 G5 G6. destruct (reserve_at_spec mem m a k) as (m' & x & E & H1 & H2 & H3); try done. exists m', x. split; [done|].
  split_and!; try done. destruct H3 as [?|[-> ?]]; [by left|right]. by exists k.
Qed.

Lemma reserve_host_region_spec mem m n : mem_ok m -> 0 <= n ->
  exists m' x, reserve_host_region mem n m = Some (m', Ok x) /\ reserve_result m m' x.
Proof.
  intros Hok Hn. unfold reserve_host_region. pose proof (reserve_result_failed m Hok).
  destruct (Z.eqb_spec n 0); [eauto|]. destruct (page_len n) as [k|] eqn:Ek; [|eauto].
  destruct (page_len_spec n k ltac:(lia) Ek) as (K1 & K2 & K3 & K4). pose proof (find_gap_spec m k Hok ltac:(lia)) as Hg.
  destruct (find_gap m k) as [a|]; [|eauto]. destruct Hg as (G1 & G2 & G3 & _). pose proof (mo_base _ Hok).
  apply reserve_result_at; try done; [unfold base_of in G1; lia|lia|]. intros. apply heap_below; [done|lia].
Qed.

Lemma reserve_host_region_at_spec mem m a n : mem_ok m -> 0 <= a -> 0 <= n ->
  exists m' x, reserve_host_region_at mem a n m = Some (m', Ok x) /\ reserve_result m m' x.
Proof.
  intros Hok Ha Hn. unfold reserve_host_region_at. pose proof (reserve_result_failed m Hok) as Hf.
  destruct ((n =? 0) || _) eqn:E0; [eauto|]. apply orb_false_iff in E0 as [E0%Z.eqb_neq _].
  destruct (page_len n) as [k|] eqn:Ek; [|eauto]. destruct (page_len_spec n k ltac:(lia) Ek) as (K1 & K2 & K3 & K4).
  destruct (checked_add_cases usize_max a k) as [[-> Hw]|[-> _]]; [|eauto]. destruct (_ || _) eqn:Ec; [eauto|].
  apply orb_false_iff in Ec as [Ec Ec6]. apply orb_false_iff in Ec as [Ec Ec5]. apply orb_false_iff in Ec as [Ec Ec4].
  apply orb_false_iff in Ec as [Ec Ec3]. apply orb_false_iff in Ec as [Ec1%Z.ltb_ge Ec2].
  apply reserve_result_at; try done; [lia|..].
  - intros y [Hy|Hy]; apply in_map_iff in Hy as (z & <- & Hz).
    + by apply (overlaps_mappings_false m a k Hok Ec4).
    + by apply (overlaps_reserved_false m a k Hok Ec5).
  - intros Hu Hp. apply (brk_heap_false m a k Hok); [|done]. apply andb_false_iff in Ec6 as [Eu|]; [|done].
    apply negb_false_iff, Z.eqb_eq in Eu. done.
Qed.

(** *** The program break *)

(** The conditions under which [set_brk] moves the break. *)
Definition brk_allowed m (b : Z) : Prop :=
  b <> 0 /\ initial_brk m <= b <= max_addr m /\ b <= brk_limit m /\ b - initial_brk m <= data_limit m
  /\ (program_break m < b -> clear_of m (program_break m, b - program_break m)).

Lemma with_break_ok m b : mem_ok m -> brk_allowed m b -> mem_ok (with_break m b).
Proof.
  intros Hok (B0 & B1 & B2 & B3 & B4). pose proof Hok as []. split; simpl; try done; [lia|].
  intros Hu Hp y Hy. unfold heap. simpl in *. pose proof (mo_heap0 Hu) as Hh. unfold heap in Hh.
  assert (0 < snd y) as Hy0.
  { destruct Hy as [Hy|Hy]; [by apply (sorted_in 0 _ y mo_maps0)|by apply (sorted_in 0 _ y mo_res0)]. }
  destruct (decide (initial_brk m < program_break m)) as [Hpb|Hpb].
  - specialize (Hh Hpb y Hy). destruct (decide (program_break m < b)) as [Hb|Hb].
    + specialize (B4 Hb y Hy). unfold misses in *. simpl in *. lia.
    + unfold misses in *. simpl in *. lia.
  - assert (program_break m = initial_brk m) as E by lia. rewrite <- E in *. by apply B4.
Qed.

Lemma set_brk_spec m b : mem_ok m ->
  mem_ok (fst (set_brk b m)) /\ snd (set_brk b m) = program_break (fst (set_brk b m))
  /\ (brk_allowed m b /\ fst (set_brk b m) = with_break m b \/ ~ brk_allowed m b /\ fst (set_brk b m) = m).
Proof.
  intros Hok. pose proof (mo_max _ Hok) as Hmax. pose proof (mo_break _ Hok) as Hbr. unfold set_brk.
  set (res := if b =? 0 then _ else _).
  assert (brk_allowed m b /\ res = (with_break m b, b) \/ ~ brk_allowed m b /\ res = (m, program_break m)) as Hres.
  { unfold res, brk_allowed. destruct (Z.eqb_spec b 0); [right; split; [tauto|done]|].
    destruct (Z.ltb_spec b (initial_brk m)); [right; split; [lia|done]|].
    destruct (Z.ltb_spec (max_addr m) b); [right; split; [lia|done]|].
    destruct (Z.ltb_spec (brk_limit m) b); [right; split; [lia|done]|].
    destruct (Z.ltb_spec (program_break m) b) as [Hb|Hb]; simpl.
    - destruct (overlaps_mappings m (program_break m) (b - program_break m)) eqn:Em; [right; split; [|done]|].
      { intros (_ & _ & _ & _ & Hc). specialize (Hc Hb). apply not_false_iff_true in Em. apply Em. unfold overlaps_mappings, checked_add.
        rewrite (proj2 (Z.leb_le _ _)) by lia. apply not_true_iff_false. rewrite existsb_exists. intros (r & Hin & Hr).
        apply not_false_iff_true in Hr. apply Hr, overlap_false. specialize (Hc (pr r) (or_introl (in_map _ _ _ Hin))).
        destruct (sorted_region 0 (regions m) r ltac:(lia) (mo_maps _ Hok) Hin) as [Hr' _]. rewrite end_of_ok by done.
        unfold misses in Hc. simpl in Hc. lia. }
      destruct (overlaps_reserved_regions m (program_break m) (b - program_break m)) eqn:Er; [right; split; [|done]|].
      { intros (_ & _ & _ & _ & Hc). specialize (Hc Hb). apply not_false_iff_true in Er. apply Er. unfold overlaps_reserved_regions, checked_add.
        rewrite (proj2 (Z.leb_le _ _)) by lia. apply not_true_iff_false. rewrite existsb_exists. intros (s & Hin & Hr).
        apply not_false_iff_true in Hr. apply Hr, overlap_false. specialize (Hc (ps s) (or_intror (in_map _ _ _ Hin))).
        destruct (reserved_region_ok m s Hok Hin) as (? & ? & ?). unfold rend_of, saturating_add. rewrite Z.min_r by lia.
        unfold misses in Hc. simpl in Hc. lia. }
      rewrite (proj2 (Z.ltb_lt (initial_brk m) b)) by lia. simpl.
      destruct (Z.ltb_spec (data_limit m) (b - initial_brk m)); [right; split; [lia|done]|].
      left. split; [|done]. split_and!; try lia. intros _ y [Hy|Hy]; apply in_map_iff in Hy as (z & <- & Hz).
      + by apply (overlaps_mappings_false m _ _ Hok Em).
      + by apply (overlaps_reserved_false m _ _ Hok Er).
    - destruct (Z.ltb_spec (initial_brk m) b); simpl.
      + destruct (Z.ltb_spec (data_limit m) (b - initial_brk m)); [right; split; [lia|done]|]. left. split; [|done]. split_and!; lia.
      + pose proof (mo_data _ Hok). left. split; [|done]. split_and!; lia. }
  destruct Hres as [[Ha ->]|[Ha ->]]; simpl; split_and!; try done; auto. by apply with_break_ok.
Qed.

(** *** Resizing a mapping *)

Lemma sorted_length lo l : 0 <= lo <= usize_max -> sorted_from lo l -> lenZ l <= usize_max - lo.
Proof.
  revert lo. induction l as [|[a n] l IH]; intros lo Hlo; simpl; [lia|]. intros (? & ? & ? & Hs).
  specialize (IH (a + n) ltac:(lia) Hs). lia.
Qed.

(** No region contains the range with room on both sides. *)
Definition no_split (a e : Z) (l : list MappedRegion) : Prop := forall r, In r l -> ~ (addr r < a /\ e < end_of r).

Lemma carve_length a e l : no_split a e l -> (length (carve a e l) <= length l)%nat.
Proof.
  intros H. induction l as [|r l IH]; [done|]. rewrite carve_cons, length_app.
  specialize (IH (fun x Hx => H x (or_intror Hx))). specialize (H r (or_introl eq_refl)). unfold left_of, right_of.
  destruct (Z.ltb_spec (addr r) a), (Z.ltb_spec e (end_of r)); simpl; lia.
Qed.

Lemma count_loop_total a e l lo rem : a <= e -> 0 <= lo -> sorted_from lo (map pr l) -> no_split a e l ->
  count_loop a e l rem = Ok (rem + lenZ (carve a e l) - lenZ l).
Proof.
  intros Hae H0 Hs Hn. destruct (count_loop_spec a e l lo rem Hae H0 Hs) as [|E]; [done|]. exfalso. clear Hs.
  revert rem E. induction l as [|r l IH]; intros rem E; [done|]. specialize (IH (fun x Hx => Hn x (or_intror Hx))).
  specialize (Hn r (or_introl eq_refl)). simpl in E.
  destruct (Z.leb_spec (end_of r) a); [by eapply IH|]. destruct (Z.leb_spec e (addr r)); [done|].
  destruct (_ && _); [by eapply IH|].
  destruct (Z.ltb_spec (addr r) a), (Z.ltb_spec e (end_of r)); simpl in E; try lia; by eapply IH.
Qed.

Lemma try_reserve_nothing {A} size mem (v : IoBuffer A) : buf_ok v -> IoBuffer.len v <= usize_max ->
  try_reserve size mem 0 v = Some (v, Ok tt).
Proof.
  unfold buf_ok. intros Hb Hl. unfold try_reserve, op_bind, op_get, op_lift, ok_or, checked_add. rewrite Z.add_0_r.
  by rewrite (proj2 (Z.leb_le _ _) Hl), (proj2 (Z.leb_le _ _) Hb).
Qed.

(** Unmapping without a split needs no memory, so it cannot fail. *)
Lemma munmap_total mem m a n : mem_ok m -> 0 <= a -> 0 < n -> n mod 65536 = 0 -> n + 65535 <= usize_max ->
  a + n <= usize_max -> no_split a (a + n) (regions m) ->
  munmap mem a n m = Some (unmapped m a (a + n), Ok (existsb (hit a (a + n)) (regions m))) /\ mem_ok (unmapped m a (a + n)).
Proof.
  intros Hok Ha Hn Hm Hw He Hs. unfold munmap. rewrite (proj2 (Z.eqb_neq n 0)) by lia. rewrite page_len_id by done.
  assert (stop a n = a + n) as Es by (unfold stop, saturating_add; lia).
  pose proof (carve_length _ _ _ Hs) as Hl. pose proof (mo_maps_buf _ Hok) as Hb.
  pose proof (sorted_length 0 _ ltac:(done) (mo_maps _ Hok)) as Hlen. rewrite length_map in Hlen.
  assert (prepare_munmap mem a n m = Some (m, Ok tt)) as E.
  { unfold prepare_munmap, prepare_mapping_change, op_get, id. cbn [op_bind]. unfold mapping_count_after_unmap.
    rewrite (proj2 (Z.eqb_neq n 0)) by lia. fold (stop a n). rewrite Es.
    rewrite (count_loop_total _ _ _ 0) by (done || lia || apply Hok). unfold op_bind, op_lift, ok_or.
    rewrite Z.max_r by lia. unfold checked_add. rewrite Z.add_0_r, (proj2 (Z.leb_le _ _)) by lia. rewrite Z.sub_diag.
    unfold on_mappings. rewrite try_reserve_nothing; [|done|unfold IoBuffer.len; fold (regions m); lia]. by destruct m. }
  rewrite (bind_ok _ _ _ _ _ E). rewrite <- Es. apply munmap_prepared_spec; [done|lia|].
  rewrite Es. unfold buf_ok, IoBuffer.len in Hb. fold (regions m) in Hb. lia.
Qed.

Lemma sorted_raise lo hi l : sorted_from lo l -> (forall x, In x l -> hi <= fst x) -> sorted_from hi l.
Proof. destruct l as [|[a n] l]; simpl; [done|]. intros (G1 & G2 & G3 & G4) Hx. split_and!; try done. apply (Hx (a, n)). by left. Qed.

Lemma extend_first_spec a old n r l lo : 0 <= lo -> sorted_from lo (map pr l) -> In r l -> addr r = a -> len r = old ->
  old < n -> a + n <= usize_max -> (forall y, In y l -> misses (a + old, n - old) (pr y)) ->
  exists l', extend_first a old n l = Some l' /\ sorted_from lo (map pr l') /\ length l' = length l
    /\ (forall y, In y l' -> In y l \/ y = mkRegion a n (prot r) (flags r))
    /\ forall b, at_byte l' b = if (a + old <=? b) && (b <? a + n) then Some (prot r, flags r) else at_byte l b.
Proof.
  revert lo. induction l as [|y l IH]; intros lo H0 Hs Hin Ea El Hn Hw Hm; [done|].
  destruct (sorted_region lo (y :: l) y H0 Hs (or_introl eq_refl)) as [Hy Hlo]. pose proof Hy as (Y1 & Y2 & Y3).
  simpl in Hs. destruct Hs as (S1 & S2 & S3 & Hs). cbn [extend_first].
  assert (In r l -> addr y + len y <= addr r) as Hlater.
  { intros Hr. by apply (sorted_region (addr y + len y) l r ltac:(lia) Hs Hr). }
  destruct (Z.eqb_spec (addr y) a) as [Ey|Ey].
  - assert (y = r) as -> by (destruct Hin as [|Hr]; [done|specialize (Hlater Hr); lia]).
    rewrite El, Z.eqb_refl. simpl. rewrite Ea in *.
    exists (mkRegion a n (prot r) (flags r) :: l). split; [done|].
    assert (forall x, In x l -> a + n <= addr x) as Hnext.
    { intros x Hx. destruct (sorted_region (a + len r) l x ltac:(lia) Hs Hx) as [(? & ? & ?) ?].
      specialize (Hm x (or_intror Hx)). unfold misses in Hm. simpl in Hm. lia. }
    split_and!.
    + simpl. split_and!; try lia. eapply sorted_raise; [exact Hs|]. intros x Hx. apply in_map_iff in Hx as (z & <- & Hz). by apply Hnext.
    + done.
    + intros x [<-|Hx]; [by right|left; by right].
    + intros b. rewrite !at_byte_cons. unfold covers. simpl. rewrite Ea, El.
      repeat match goal with |- context [?x <=? ?y] => destruct (Z.leb_spec x y) | |- context [?x <? ?y] => destruct (Z.ltb_spec x y) end;
        simpl; try done; lia.
  - destruct Hin as [->|Hin]; [done|]. simpl.
    destruct (IH (addr y + len y)) as (l' & -> & L1 & L2 & L3 & L4); try done; [lia|intros; apply Hm; by right|].
    exists (y :: l'). split; [done|]. split_and!; [simpl; by split_and!|simpl; lia| |].
    + intros x [<-|Hx]; [left; by left|]. destruct (L3 x Hx); [left; by right|by right].
    + intros b. rewrite !at_byte_cons, L4. destruct (covers b y) eqn:Ec; [|done]. apply covers_spec in Ec.
      specialize (Hm y (or_introl eq_refl)). unfold misses in Hm. simpl in Hm.
      destruct (Z.leb_spec (a + old) b), (Z.ltb_spec b (a + n)); try done. lia.
Qed.

Lemma extend_spec m r n : mem_ok m -> In r (regions m) -> len r < n -> addr r + n <= max_addr m ->
  clear_of m (addr r + len r, n - len r) ->
  (reserved_until m <> 0 -> initial_brk m < program_break m -> misses (heap m) (addr r + len r, n - len r)) ->
  exists m', extend_mapping (addr r) (len r) n m = (m', true) /\ mem_ok m' /\ frame m m'
    /\ forall b, at_byte (regions m') b
         = if (addr r + len r <=? b) && (b <? addr r + n) then Some (prot r, flags r) else at_byte (regions m) b.
Proof.
  intros Hok Hin Hn Ht Hc Hh. pose proof Hok as [Hb ? Hsort ? Hap Htop Hmax ? ? ? Hheap].
  destruct (extend_first_spec (addr r) (len r) n r (regions m) 0) as (l' & E & L1 & L2 & L3 & L4); try done; [lia| |].
  { intros y Hy. apply Hc. left. by apply in_map. }
  unfold extend_mapping. rewrite E. eexists. split; [done|]. split; [|done].
  assert (0 < len r) as Hr by (by apply (sorted_region 0 (regions m) r ltac:(lia) Hsort Hin)).
  apply with_mappings_ok; [done|unfold buf_ok, IoBuffer.len, regions in *; simpl; by rewrite L2|done|].
  cbn [values]. intros y Hy. destruct (L3 y Hy) as [Hold| ->].
  - split_and!; [apply (Htop (pr y)); left; by apply in_map|intros; by apply Hap|].
    intros Hu Hp. apply (Hheap Hu Hp). left. by apply in_map.
  - split_and!; [simpl; lia|intros s Hs|intros Hu Hp].
    + pose proof (Hap r s Hin Hs) as M1. pose proof (Hc (ps s) (or_intror (in_map _ _ _ Hs))) as M2.
      destruct (reserved_region_ok m s Hok Hs) as (? & ? & ?). unfold misses in *. simpl in *. lia.
    + pose proof (Hheap Hu Hp (pr r) (or_introl (in_map _ _ _ Hin))) as M1. specialize (Hh Hu Hp).
      unfold misses, heap in *. simpl in *. lia.
Qed.

Lemma sorted_pairs lo l x y : 0 <= lo -> sorted_from lo (map pr l) -> In x l -> In y l -> x = y \/ misses (pr x) (pr y).
Proof.
  revert lo. induction l as [|z l IH]; intros lo H0 Hs Hx Hy; [done|].
  destruct (sorted_region lo (z :: l) z H0 Hs (or_introl eq_refl)) as [(? & ? & ?) ?].
  simpl in Hs. destruct Hs as (_ & _ & _ & Hs).
  assert (forall w, In w l -> misses (pr z) (pr w)) as Hz.
  { intros w Hw. destruct (sorted_region (addr z + len z) l w ltac:(lia) Hs Hw). left. simpl. lia. }
  destruct Hx as [->|Hx], Hy as [->|Hy]; [by left|right; auto|right; apply misses_sym; auto|].
  apply (IH (addr z + len z)); (done || lia).
Qed.

(** A range inside a region is strictly inside no other, so it splits nothing
    when it reaches an end of its region. *)
Lemma no_split_inside m r a e : mem_ok m -> In r (regions m) -> addr r <= a -> a < e -> e <= addr r + len r ->
  a = addr r \/ e = addr r + len r -> no_split a e (regions m).
Proof.
  intros Hok Hr H1 H2 H3 H4 y Hy [C1 C2]. destruct (sorted_region 0 _ y ltac:(lia) (mo_maps _ Hok) Hy) as [Yok _].
  rewrite end_of_ok in C2 by done. destruct (sorted_pairs 0 _ y r ltac:(lia) (mo_maps _ Hok) Hy Hr) as [->|Hm]; [lia|].
  unfold misses in Hm. simpl in Hm. lia.
Qed.

Lemma pages_equal n k : 0 < n -> n mod 65536 = 0 -> page_len n = Some k -> k = n.
Proof.
  intros Hn Hm Hk. destruct (page_len_spec n k Hn Hk) as (K1 & K2 & K3 & _).
  apply Z.div_exact in Hm, K3; [|lia..]. lia.
Qed.

Definition same_bytes m m' : Prop := forall b, at_byte (regions m') b = at_byte (regions m) b.
(** The bytes after a successful [mremap] of region [r] to [k] bytes at [x]. *)
Inductive remapped m r (k x : Z) (bytes : Z -> option (Z * Z)) : Prop :=
  | shrunk : k <= len r -> x = addr r ->
      (forall b, bytes b = if (addr r + k <=? b) && (b <? addr r + len r) then None else at_byte (regions m) b) ->
      remapped m r k x bytes
  | grown : len r < k -> x = addr r ->
      (forall b, bytes b = if (addr r + len r <=? b) && (b <? addr r + k) then Some (prot r, flags r)
                           else at_byte (regions m) b) ->
      remapped m r k x bytes
  | moved : len r < k -> clear_of m (x, k) ->
      (forall b, bytes b = if (addr r <=? b) && (b <? addr r + len r) then None
                           else if (x <=? b) && (b <? x + k) then Some (3, Z.lor MAP_PRIVATE MAP_ANONYMOUS)
                           else at_byte (regions m) b) ->
      remapped m r k x bytes.

Lemma shrink_spec mem m r k : mem_ok m -> In r (regions m) -> 0 < k -> k < len r -> k mod 65536 = 0 -> len r mod 65536 = 0 ->
  exists m', munmap mem (addr r + k) (len r - k) m = Some (m', Ok true) /\ mem_ok m' /\ frame m m'
    /\ remapped m r k (addr r) (at_byte (regions m')).
Proof.
  intros Hok Hr Hk Hlt Hm1 Hm2. destruct (sorted_region 0 _ r ltac:(lia) (mo_maps _ Hok) Hr) as [Rok _]. pose proof Rok as (R1 & R2 & R3).
  assert (k = 65536 * (k / 65536)) as D1 by (apply Z.div_exact in Hm1; lia).
  assert (len r = 65536 * (len r / 65536)) as D2 by (apply Z.div_exact in Hm2; lia).
  destruct (munmap_total mem m (addr r + k) (len r - k) Hok) as [-> H1]; try lia.
  { rewrite D1, D2. rewrite <- Z.mul_sub_distr_l, Z.mul_comm. apply Z.mod_mul. lia. }
  { apply (no_split_inside m r); try done; lia. }
  replace (addr r + k + (len r - k)) with (addr r + len r) in * by lia.
  assert (existsb (hit (addr r + k) (addr r + len r)) (regions m) = true) as ->.
  { apply existsb_exists. exists r. split; [done|]. unfold hit, overlap. rewrite end_of_ok, andb_true_iff, !Z.ltb_lt by done. lia. }
  eexists. split; [done|]. split; [done|]. split; [done|]. apply shrunk; [lia|done|]. intros b.
  apply at_byte_carve. by apply sorted_regions_ok, Hok.
Qed.

Lemma move_spec mem m r k : mem_ok m -> In r (regions m) -> len r < k -> k mod 65536 = 0 -> len r mod 65536 = 0 ->
  exists m' res, (do! _ <- prepare_mremap_move mem (addr r) (len r);
                  do! x <- mmap_anonymous mem 0 k 3 (Z.lor MAP_PRIVATE MAP_ANONYMOUS);
                  if x =? MAP_FAILED then op_err ENOMEM else do! _ <- munmap mem (addr r) (len r); op_ret x) m = Some (m', res)
    /\ mem_ok m' /\ frame m m'
    /\ match res with Ok x => remapped m r k x (at_byte (regions m')) | Err e => same_bytes m m' /\ (e = ENOMEM \/ e = EIO) end.
Proof.
  intros Hok Hr Hk Hm1 Hm2. destruct (sorted_region 0 _ r ltac:(lia) (mo_maps _ Hok) Hr) as [Rok _]. pose proof Rok as (R1 & R2 & R3).
  pose proof (mo_max _ Hok). pose proof (mo_top _ Hok (pr r) (or_introl (in_map _ _ _ Hr))) as Htop. simpl in Htop.
  destruct (prepare_change_spec mem m (addr r) (len r) 1 Hok) as (cap & res & E & H1 & _ & He); [apply stop_ge; lia|lia..|].
  unfold prepare_mremap_move. destruct res as [[]|e].
  2: { rewrite (bind_err _ _ _ _ _ E). destruct (He e eq_refl) as [-> ?]. exists m, (Err e). by split_and!. }
  rewrite (bind_ok _ _ _ _ _ E). set (m1 := with_room m cap) in *.
  destruct (mmap_spec mem m1 0 k 3 (Z.lor MAP_PRIVATE MAP_ANONYMOUS) H1) as (m2 & x & E2 & H2 & F2 & D); [unfold usize_max, u32_max; lia|lia|].
  rewrite (bind_ok _ _ _ _ _ E2). destruct D as [[-> ->]|(k' & Ek & K1 & K2 & K3 & Hbytes & _ & Hplace)].
  { rewrite Z.eqb_refl. exists m1, (Err ENOMEM). split_and!; try done. by left. }
  apply pages_equal in Ek; [|lia|done]. subst k'. simpl in K3.
  destruct Hplace as (_ & Hc & Hin). rewrite (proj2 (Z.eqb_neq x MAP_FAILED)) by (unfold MAP_FAILED, usize_max, u32_max in *; lia).
  assert (misses (x, k) (pr r)) as Hxr by (apply Hc; left; by apply in_map).
  assert (len r + 65535 <= usize_max) as Hroom.
  { apply Z.div_exact in Hm1, Hm2; [|lia..]. unfold misses in Hxr. simpl in Hxr. unfold usize_max, u32_max in *. lia. }
  destruct (munmap_total mem m2 (addr r) (len r) H2) as [E3 H3]; try done.
  { intros y Hy [C1 C2]. destruct (sorted_region 0 _ y ltac:(lia) (mo_maps _ H2) Hy) as [Yok _]. rewrite end_of_ok in C2 by done.
    destruct (Hin y Hy) as [->|Hold].
    - unfold misses in Hxr. simpl in *. lia.
    - change (regions m1) with (regions m) in Hold.
      destruct (sorted_pairs 0 _ y r ltac:(lia) (mo_maps _ Hok) Hold Hr) as [->|Hm]; [lia|]. unfold misses in Hm. simpl in Hm. lia. }
  rewrite (bind_ok _ _ _ _ _ E3). eexists _, (Ok x). split; [reflexivity|]. split; [exact H3|]. split; [exact F2|].
  apply moved; [done|exact Hc|]. intros b.
  change (regions (unmapped m2 (addr r) (addr r + len r))) with (carve (addr r) (addr r + len r) (regions m2)).
  rewrite at_byte_carve by (apply sorted_regions_ok, H2). destruct (_ && _); [done|]. apply Hbytes.
Qed.

Lemma mremap_spec mem m r old_len new_len f : mem_ok m -> In r (regions m) -> 0 < old_len -> page_len old_len = Some (len r) ->
  0 <= new_len ->
  exists m' res, sys_mremap mem (addr r) old_len new_len f m = Some (m', res) /\ mem_ok m' /\ frame m m'
    /\ match res with
       | Ok x => exists k, page_len new_len = Some k /\ new_len <= k /\ remapped m r k x (at_byte (regions m'))
       | Err e => same_bytes m m' /\ (e = EINVAL \/ e = ENOMEM \/ e = EIO)
       end.
Proof.
  intros Hok Hr Ho Eo Hn. unfold sys_mremap. destruct (sorted_region 0 _ r ltac:(lia) (mo_maps _ Hok) Hr) as [Rok _].
  pose proof Rok as (R1 & R2 & R3). destruct (page_len_spec old_len (len r) Ho Eo) as (_ & _ & Hm2 & _).
  assert (forall e, e = EINVAL \/ e = ENOMEM -> exists m' res, Some (m, @Err Z e) = Some (m', res) /\ mem_ok m' /\ frame m m'
    /\ match res with
       | Ok x => exists k, page_len new_len = Some k /\ new_len <= k /\ remapped m r k x (at_byte (regions m'))
       | Err e => same_bytes m m' /\ (e = EINVAL \/ e = ENOMEM \/ e = EIO) end) as Herr.
  { intros e He. exists m, (Err e). split_and!; try done. tauto. }
  rewrite (proj2 (Z.eqb_neq old_len 0)) by lia. destruct (Z.eqb_spec new_len 0); [by apply Herr; left|]. change (false || false) with false. cbv iota.
  destruct (negb (Z.ldiff f MREMAP_MAYMOVE =? 0)); [by apply Herr; left|].
  rewrite bind_ok_or, Eo, bind_ok_or. destruct (page_len new_len) as [k|] eqn:En; [|by apply Herr; left].
  destruct (page_len_spec new_len k ltac:(lia) En) as (K1 & K2 & Hm1 & K3).
  destruct (Z.leb_spec k (len r)) as [Hk|Hk].
  - destruct (Z.ltb_spec k (len r)) as [Hlt|Hge].
    + destruct (shrink_spec mem m r k Hok Hr ltac:(lia) Hlt Hm1 Hm2) as (m' & E & H1 & H2 & H3).
      unfold checked_add at 1. rewrite (proj2 (Z.leb_le (addr r + k) usize_max)) by lia. unfold ok_or, op_lift. unfold op_bind at 1 2.
      rewrite E. eexists m', _. split; [reflexivity|]. split; [done|]. split; [done|]. eauto.
    + eexists m, _. split; [reflexivity|]. split; [done|]. split; [done|]. exists k. split; [done|]. split; [done|].
      apply shrunk; [done|done|]. intros b. destruct (Z.leb_spec (addr r + k) b), (Z.ltb_spec b (addr r + len r)); try done; lia.
  - rewrite bind_ok_or. unfold checked_add. rewrite (proj2 (Z.leb_le (addr r + len r) usize_max)) by lia.
    unfold op_get, id. cbn [op_bind]. destruct (can_grow_at m (addr r + len r) (k - len r)) eqn:Eg.
    + destruct (can_grow_spec m _ _ Hok Eg) as (G1 & G2 & G3).
      destruct (extend_spec m r k Hok Hr Hk ltac:(lia) G2 G3) as (m' & -> & H1 & H2 & H3).
      eexists m', _. split; [reflexivity|]. split; [done|]. split; [done|]. exists k. split; [done|]. split; [done|]. by apply grown.
    + destruct (has_flag f MREMAP_MAYMOVE); [|by apply Herr; right].
      destruct (move_spec mem m r k Hok Hr Hk Hm1 Hm2) as (m' & res & E & H1 & H2 & H3). exists m', res. split; [exact E|].
      split; [done|]. split; [done|]. destruct res as [x|e]; [eauto|]. destruct H3 as [? [?|?]]; auto.
Qed.

(** *** Every branch of [sys_mremap] *)

Lemma extend_first_Some a old n l l' : extend_first a old n l = Some l' -> exists r, In r l /\ addr r = a /\ len r = old.
Proof.
  revert l'. induction l as [|r l IH]; intros l'; simpl; [done|].
  destruct (Z.eqb_spec (addr r) a), (Z.eqb_spec (len r) old); simpl; [eauto 10|..];
    (destruct (extend_first a old n l) as [l1|]; [|done]); intros _; destruct (IH l1 eq_refl) as (y & ? & ? & ?); eauto 10.
Qed.

Lemma munmap_ok mem m a n : mem_ok m -> 0 <= a <= usize_max -> 0 <= n ->
  exists m' res, munmap mem a n m = Some (m', res) /\ mem_ok m'.
Proof. intros. destruct (munmap_spec mem m a n) as (m' & res & ? & ? & _); try done. eauto. Qed.

Lemma mremap_ok mem m a old_len new_len f : mem_ok m -> 0 <= a <= usize_max -> 0 <= old_len -> 0 <= new_len ->
  exists m' res, sys_mremap mem a old_len new_len f m = Some (m', res) /\ mem_ok m'.
Proof.
  intros Hok Ha Ho Hn. unfold sys_mremap.
  assert (forall e : Errno, exists m' res, Some (m, @Err Z e) = Some (m', res) /\ mem_ok m') as Herr by eauto.
  destruct (_ || _) eqn:E0; [apply Herr|]. apply orb_false_iff in E0 as [N1%Z.eqb_neq N2%Z.eqb_neq].
  destruct (negb _); [apply Herr|]. rewrite bind_ok_or. destruct (page_len old_len) as [ko|] eqn:Eo; [|apply Herr].
  rewrite bind_ok_or. destruct (page_len new_len) as [kn|] eqn:En; [|apply Herr].
  destruct (page_len_spec old_len ko ltac:(lia) Eo) as (_ & _ & _ & Ko).
  destruct (page_len_spec new_len kn ltac:(lia) En) as (_ & _ & _ & Kn).
  destruct (Z.leb_spec kn ko).
  - destruct (Z.ltb_spec kn ko); [|eexists m, _; by split]. unfold op_bind, op_lift.
    destruct (checked_add_cases usize_max a kn) as [[-> Hw]|[-> _]]; simpl; [|apply Herr].
    destruct (munmap_ok mem m (a + kn) (ko - kn) Hok ltac:(lia) ltac:(lia)) as (m' & [x|e] & -> & ?); eexists m', _; by split.
  - rewrite bind_ok_or. destruct (checked_add_cases usize_max a ko) as [[-> Hw]|[-> _]]; [|apply Herr].
    unfold op_get, id. cbn [op_bind]. destruct (can_grow_at m (a + ko) (kn - ko)) eqn:Eg.
    + destruct (extend_mapping a ko kn m) as [m' b] eqn:Ex. unfold extend_mapping in Ex.
      destruct (extend_first a ko kn (regions m)) as [l'|] eqn:El; simplify_eq/=; [|eexists m', _; by split].
      destruct (extend_first_Some _ _ _ _ _ El) as (r & Hin & <- & <-). destruct (can_grow_spec m _ _ Hok Eg) as (G1 & G2 & G3).
      destruct (extend_spec m r kn Hok Hin ltac:(lia) ltac:(lia) G2 G3) as (m' & E' & H1 & _).
      unfold extend_mapping in E'. rewrite El in E'. simplify_eq. eexists _, _. by split.
    + destruct (has_flag f MREMAP_MAYMOVE); [|apply Herr]. unfold prepare_mremap_move.
      destruct (prepare_change_spec mem m a ko 1 Hok) as (cap & [[]|e] & E & H1 & _); [apply stop_ge; lia|lia..| |].
      2: { rewrite (bind_err _ _ _ _ _ E). eauto. }
      rewrite (bind_ok _ _ _ _ _ E).
      destruct (mmap_spec mem (with_room m cap) 0 kn 3 (Z.lor MAP_PRIVATE MAP_ANONYMOUS) H1) as (m2 & x & E2 & H2 & _); [lia..|].
      rewrite (bind_ok _ _ _ _ _ E2). destruct (x =? MAP_FAILED); [eexists m2, _; by split|].
      destruct (munmap_ok mem m2 a ko H2 ltac:(lia) ltac:(lia)) as (m3 & [y|e] & E3 & ?).
      * rewrite (bind_ok _ _ _ _ _ E3). eexists m3, _. by split.
      * rewrite (bind_err _ _ _ _ _ E3). eexists m3, _. by split.
Qed.

(** *** Fork *)

Lemma push_all_spec rs (v : IoBuffer MappedRegion) : IoBuffer.len v + lenZ rs <= IoBuffer.capacity v ->
  push_all rs v = Some (mkIoBuffer (values v ++ rs) (IoBuffer.capacity v), Ok tt).
Proof.
  revert v. induction rs as [|r rs IH]; intros v H; [simpl; rewrite app_nil_r; by destruct v|].
  simpl in H. destruct (push_spec r v) as [E _]; [lia|]. cbn [push_all]. rewrite (bind_ok _ _ _ _ _ E). rewrite IH.
  - simpl. by rewrite <- app_assoc.
  - unfold IoBuffer.len in *. simpl. rewrite length_app. simpl. lia.
Qed.

Lemma sorted_strongly lo l : sorted_from lo (map pr l) -> StronglySorted region_le l.
Proof.
  revert lo. induction l as [|r l IH]; intros lo Hs; [constructor|]. simpl in Hs. destruct Hs as (? & ? & ? & Hs). constructor; [by eapply IH|].
  apply Forall_forall. intros y Hy. unfold region_le.
  assert (In (pr y) (map pr l)) as Hin by (apply in_map; by apply list_elem_of_In).
  destruct (sorted_in _ _ _ Hs Hin) as (? & _). simpl in *. lia.
Qed.

#[global] Instance region_le_total : Total region_le.
Proof. intros x y. unfold region_le. lia. Qed.
#[global] Instance region_le_trans : Transitive region_le.
Proof. intros x y z. unfold region_le. lia. Qed.

Lemma sort_sorted l : regions_sorted l -> merge_sort region_le l = l.
Proof.
  intros Hs. apply (StronglySorted_unique_strong region_le); [|apply StronglySorted_merge_sort; apply _|by eapply sorted_strongly|apply merge_sort_Permutation].
  intros x y Hx Hy H1 H2. rewrite (merge_sort_Permutation region_le l) in Hx. apply list_elem_of_In in Hx, Hy.
  destruct (sorted_pairs 0 l x y ltac:(lia) Hs Hx Hy) as [|Hm]; [done|]. unfold region_le in *.
  destruct (sorted_region 0 l x ltac:(lia) Hs Hx) as [(? & ? & ?) _]. destruct (sorted_region 0 l y ltac:(lia) Hs Hy) as [(? & ? & ?) _].
  unfold misses in Hm. simpl in Hm. lia.
Qed.

(** A break that the layout allows. *)
Definition break_allowed m : Prop := program_break m <> 0 /\ program_break m <= max_addr m /\ program_break m <= brk_limit m.

Lemma restore_spec mem m : mem_ok m -> break_allowed m -> lenZ (regions m) <= 4096 ->
  exists res, restore_memory mem (program_break m) (layout_metadata m) (regions m) = Some res
    /\ match res with
       | Ok m' => mem_ok m' /\ regions m' = regions m /\ program_break m' = program_break m
                  /\ layout_metadata m' = layout_metadata m /\ reserves m' = []
       | Err e => e = ENOMEM \/ e = EIO
       end.
Proof.
  intros Hok (B0 & B1 & B2) Hc. pose proof Hok as [Hb ? Hsort ? ? Htop Hmax Hbr Hbase ? Hheap]. unfold restore_memory.
  assert (set_brk (program_break m) (set_layout_metadata (layout_metadata m) new)
    = (with_break (set_layout_metadata (layout_metadata m) new) (program_break m), program_break m)) as ->.
  { unfold set_brk, overlaps_mappings, overlaps_reserved_regions, checked_add. simpl.
    rewrite (proj2 (Z.eqb_neq _ _) B0). rewrite !(proj2 (Z.ltb_ge _ _)) by lia.
    assert (u64_max <? program_break m - initial_brk m = false) as -> by (apply Z.ltb_ge; unfold u64_max, usize_max, u32_max in *; lia).
    rewrite andb_false_r. rewrite (proj2 (Z.leb_le _ _)) by (unfold INITIAL_BRK in *; lia). simpl. by rewrite andb_false_r. }
  cbn [fst]. rewrite (proj2 (Z.ltb_ge _ _)) by lia. unfold try_with_capacity, build.
  destruct (try_reserve_exact_spec region_size mem (lenZ (regions m)) (@IoBuffer.new MappedRegion)) as (v & [[]|e] & -> & Hv & _ & Hw & He).
  2: { exists (Err e). split; [done|]. by apply (He e). }
  specialize (Hw eq_refl). change (0 + lenZ (regions m) <= IoBuffer.capacity v) in Hw. rewrite push_all_spec; [|unfold IoBuffer.len; rewrite Hv; simpl; lia]. rewrite Hv. simpl app.
  eexists. split; [done|]. unfold set_mappings. cbn [values IoBuffer.capacity]. rewrite sort_sorted by done.
  split; [|by split_and!]. split; simpl; try done.
  - by intros r s' _ [].
  - intros x [Hx|[]]. apply Htop. by left.
  - intros Hu Hp x [Hx|[]]. apply (Hheap Hu Hp). by left.
Qed.

(** ** Reachable address spaces *)

(** The calls of a process and of the host. The host lowers the ceiling to
    addresses above what is in use, and moves the base of the mappings before
    the program has grown its heap; a forked child restores the parent's space. *)
Inductive mem_step : MemoryManager -> MemoryManager -> Prop :=
  | ms_mmap mem hint n p f m m' res : 0 <= hint <= usize_max -> 0 <= n -> mmap_anonymous mem hint n p f m = Some (m', res) -> mem_step m m'
  | ms_munmap mem a n m m' res : 0 <= a <= usize_max -> 0 <= n -> munmap mem a n m = Some (m', res) -> mem_step m m'
  | ms_mremap mem a old_len new_len f m m' res : 0 <= a <= usize_max -> 0 <= old_len -> 0 <= new_len ->
      sys_mremap mem a old_len new_len f m = Some (m', res) -> mem_step m m'
  | ms_reserve mem n m m' res : 0 <= n -> reserve_host_region mem n m = Some (m', res) -> mem_step m m'
  | ms_reserve_at mem a n m m' res : 0 <= a -> 0 <= n -> reserve_host_region_at mem a n m = Some (m', res) -> mem_step m m'
  | ms_brk b m : mem_step m (fst (set_brk b m))
  | ms_brk_base a m : 0 <= a -> mem_step m (set_brk_base a m)
  | ms_data_limit limit m : 0 <= limit -> mem_step m (set_data_limit limit m)
  | ms_max_addr a m : 0 <= a -> (forall x, taken m x -> fst x + snd x <= a) -> mem_step m (set_max_addr a m)
  | ms_mmap_base a m : 0 <= a -> program_break m = initial_brk m -> mem_step m (set_mmap_base a m)
  | ms_brk_limit a m : mem_step m (set_brk_limit a m)
  | ms_fork mem m m' : break_allowed m -> restore_memory mem (program_break m) (layout_metadata m) (regions m) = Some (Ok m') ->
      mem_step m m'.

Lemma new_manager_ok : mem_ok new.
Proof. split; simpl; try done; [by intros ??[]|by intros x [[]|[]]]. Qed.

Lemma page_up_nonneg a : 0 <= a -> 0 <= align_page_up a.
Proof.
  intros H. unfold align_page_up. rewrite page_down_spec. unfold saturating_add.
  assert (0 <= Z.min usize_max (a + 65535)) by (unfold usize_max, u32_max; lia).
  pose proof (Z.div_pos (Z.min usize_max (a + 65535)) 65536 ltac:(lia) ltac:(lia)). lia.
Qed.

Lemma mem_step_ok m m' : mem_ok m -> mem_step m m' -> mem_ok m'.
Proof.
  intros Hok Hs. destruct Hs as [mem hint n p f m m' r Hh Hn E|mem a n m m' r Ha Hn E|mem a o n f m m' r Ha Ho Hn E|mem n m m' r Hn E
    |mem a n m m' r Ha Hn E|b m|a m Ha|l m Hl|a m Ha Ht|a m Ha Hb|a m|mem m m' Hb E].
  - destruct (mmap_spec mem m hint n p f Hok Hh Hn) as (? & ? & E' & ? & _). rewrite E in E'. by simplify_eq.
  - destruct (munmap_ok mem m a n Hok Ha Hn) as (? & ? & E' & ?). rewrite E in E'. by simplify_eq.
  - destruct (mremap_ok mem m a o n f Hok Ha Ho Hn) as (? & ? & E' & ?). rewrite E in E'. by simplify_eq.
  - destruct (reserve_host_region_spec mem m n Hok Hn) as (? & ? & E' & ? & _). rewrite E in E'. by simplify_eq.
  - destruct (reserve_host_region_at_spec mem m a n Hok Ha Hn) as (? & ? & E' & ? & _). rewrite E in E'. by simplify_eq.
  - by apply set_brk_spec.
  - destruct Hok. split; simpl; try done; [|intros _ Hp; lia].
    destruct (Z.ltb_spec (mmap_base m) a); [by apply page_up_nonneg|done].
  - destruct Hok. by split.
  - unfold set_max_addr. destruct (Z.ltb_spec a (max_addr m)); [|done]. destruct Hok. split; simpl; try done. lia.
  - destruct Hok. split; simpl; try done; [lia|intros _ Hp; simpl in Hp; lia].
  - unfold set_brk_limit. destruct (a <? brk_limit m); [|done]. destruct Hok. by split.
  - destruct (decide (lenZ (regions m) <= 4096)) as [Hc|Hc].
    + destruct (restore_spec mem m Hok Hb Hc) as (res & E' & H). rewrite E in E'. simplify_eq. by apply H.
    + unfold restore_memory in E. rewrite (proj2 (Z.ltb_lt _ _)) in E by lia. done.
Qed.

Lemma reachable_mem_ok m : rtc mem_step new m -> mem_ok m.
Proof.
  assert (forall m0 m, rtc mem_step m0 m -> mem_ok m0 -> mem_ok m) as H.
  { intros m0 m1 Hs. induction Hs as [|m0 m1 m2 Hs _ IH]; [done|]. intros Hok. apply IH. by eapply mem_step_ok. }
  intros Hs. eapply H; [exact Hs|apply new_manager_ok].
Qed.
End Invariant.

(** ** Properties *)

(** Every address space a process and the host can produce is well formed:
    mapped and host-reserved regions are sorted, non-empty and disjoint, also
    from each other, below the ceiling, and in the compact layout apart from the
    heap; and no call panics there. *)
Theorem address_space_invariant m : rtc mem_step new m ->
  mem_ok m
  /\ (forall mem hint n p f, 0 <= hint <= usize_max -> 0 <= n -> mmap_anonymous mem hint n p f m <> None)
  /\ (forall mem a n, 0 <= a <= usize_max -> 0 <= n -> munmap mem a n m <> None)
  /\ forall mem a old_len new_len f, 0 <= a <= usize_max -> 0 <= old_len -> 0 <= new_len ->
       sys_mremap mem a old_len new_len f m <> None.
Proof.
  intros Hok%reachable_mem_ok. split_and!; [done|..].
  - intros mem hint n p f Hh Hn. by destruct (mmap_spec mem m hint n p f Hok Hh Hn) as (? & ? & -> & _).
  - intros mem a n Ha Hn. by destruct (munmap_ok mem m a n Hok Ha Hn) as (? & ? & -> & _).
  - intros mem a o n f Ha Ho Hn. by destruct (mremap_ok mem m a o n f Hok Ha Ho Hn) as (? & ? & -> & _).
Qed.

(** C27. [mmap] is the update of a map of bytes: a successful call gives the
    pages of the new region its protection and flags and leaves every other byte
    as it was; a fixed mapping is where it was asked for, any other one takes
    bytes that were free, above the heap and [mmap_base]; a failed call changes
    nothing. Host-reserved regions are never touched. *)
Theorem mmap_refines_byte_map m mem hint n p f : rtc mem_step new m -> 0 <= hint <= usize_max -> 0 <= n ->
  exists m' x, mmap_anonymous mem hint n p f m = Some (m', Ok x)
    /\ (x = MAP_FAILED /\ m' = m
        \/ exists k, page_len n = Some k /\ n <= k /\ x + k <= max_addr m
             /\ (forall b, at_byte (regions m') b
                    = if (x <=? b) && (b <? x + k) then Some (p, f) else at_byte (regions m) b)
             /\ reserves m' = reserves m /\ (forall s, In s (reserves m) -> misses (x, k) (ps s))
             /\ if is_fixed hint f then x = hint
                else Z.max (mmap_base m) (program_break m) <= x
                     /\ forall b, x <= b < x + k -> at_byte (regions m) b = None).
Proof.
  intros Hok%reachable_mem_ok Hh Hn. destruct (mmap_spec mem m hint n p f Hok Hh Hn) as (m' & x & E & _ & (F & _) & D).
  exists m', x. split; [done|]. destruct D as [?|(k & K1 & K2 & K3 & K4 & K5 & K6 & K7)]; [by left|right].
  exists k. split_and!; try done; [unfold reserves; by rewrite F|]. destruct (is_fixed hint f); [done|].
  destruct K7 as (B1 & B2 & _). split; [done|]. intros b Hb. apply at_byte_None. intros r Hr. apply not_true_is_false.
  rewrite covers_spec. specialize (B2 (pr r) (or_introl (in_map _ _ _ Hr))). unfold misses in B2. simpl in B2. lia.
Qed.

(** [munmap] removes exactly the bytes of its page-rounded range from the
    map, however regions have to be dropped, trimmed or split, and says whether
    it met any region; when memory for a split is refused nothing changes. *)
Theorem munmap_refines_byte_map m mem a n : rtc mem_step new m -> 0 <= a <= usize_max -> 0 < n ->
  exists m' res, munmap mem a n m = Some (m', res)
    /\ match page_len n, res with
       | Some k, Ok found =>
           (forall b, b < usize_max -> at_byte (regions m') b = if (a <=? b) && (b <? a + k) then None else at_byte (regions m) b)
           /\ found = existsb (fun r => overlap a (stop a k) (addr r) (end_of r)) (regions m)
           /\ reserves m' = reserves m /\ program_break m' = program_break m
       | Some _, Err e => m' = m /\ (e = ENOMEM \/ e = EIO)
       | None, _ => m' = m /\ res = Ok false
       end.
Proof.
  intros Hok%reachable_mem_ok Ha Hn. destruct (munmap_spec mem m a n Hok Ha ltac:(lia)) as (m' & res & E & _ & H).
  exists m', res. split; [done|]. rewrite (proj2 (Z.eqb_neq n 0)) in H by lia.
  destruct (page_len n) as [k|], res as [found|e]; try done; [|by destruct H as [-> ->]].
  destruct H as (cap & -> & ->). split_and!; try done. intros b Hb.
  change (regions (unmapped (with_room m cap) a (stop a k))) with (carve a (stop a k) (regions m)).
  rewrite at_byte_carve by (apply sorted_regions_ok, Hok). unfold stop, saturating_add.
  destruct (Z.leb_spec a b), (Z.ltb_spec b (Z.min usize_max (a + k))), (Z.ltb_spec b (a + k)); try done; lia.
Qed.

(** The automatic placement is a first fit: the address is the lowest one
    of the window at which the range meets no mapped or reserved region, and
    there is none only when no such address exists; scanning the two sorted
    vectors as one stream finds it. *)
Theorem find_gap_is_lowest m n : rtc mem_step new m -> 0 < n ->
  match find_gap m n with
  | Some a => base_of m <= a /\ a + n <= max_addr m /\ clear_of m (a, n)
      /\ forall a', base_of m <= a' < a -> ~ clear_of m (a', n)
  | None => forall a', base_of m <= a' -> a' + n <= max_addr m -> ~ clear_of m (a', n)
  end.
Proof. intros Hok%reachable_mem_ok. by apply find_gap_spec. Qed.

(** [brk] moves the break exactly when the new one lies within the limits
    and the grown range meets no mapped or reserved region; otherwise the break
    stays, and the caller sees the break in force either way. *)
Theorem brk_moves_iff_allowed m b : rtc mem_step new m ->
  let '(m', x) := set_brk b m in
  x = program_break m' /\ mappings m' = mappings m /\ (brk_allowed m b -> x = b) /\ (~ brk_allowed m b -> m' = m).
Proof.
  intros Hok%reachable_mem_ok. destruct (set_brk_spec m b Hok) as (_ & H2 & H3). destruct (set_brk b m) as [m' x]. simpl in *.
  destruct H3 as [[Ha ->]|[Ha ->]]; simpl in *; split_and!; try done; tauto.
Qed.

(** [mremap] of a mapped region: shrinking removes its tail, growing keeps
    its protection and flags when the following pages are free, and otherwise a
    move maps free pages and unmaps the old region, no other byte changes; a
    failed call changes no byte, also when memory is refused half way. *)
Theorem mremap_moves_whole_region m mem r old_len new_len f : rtc mem_step new m -> In r (regions m) ->
  0 < old_len -> page_len old_len = Some (len r) -> 0 <= new_len ->
  exists m' res, sys_mremap mem (addr r) old_len new_len f m = Some (m', res)
    /\ match res with
       | Ok x => exists k, page_len new_len = Some k /\ new_len <= k /\ remapped m r k x (at_byte (regions m'))
       | Err e => (forall b, at_byte (regions m') b = at_byte (regions m) b) /\ (e = EINVAL \/ e = ENOMEM \/ e = EIO)
       end.
Proof.
  intros Hok%reachable_mem_ok Hr Ho Eo Hn. destruct (mremap_spec mem m r old_len new_len f Hok Hr Ho Eo Hn) as (m' & res & E & _ & _ & H).
  eauto.
Qed.

(** A forked child gets the address space of its parent back: the mapped
    regions, the break and the layout are those of the parent, the host-reserved
    regions are not inherited. *)
Theorem fork_restores_memory m mem : rtc mem_step new m -> break_allowed m -> lenZ (regions m) <= 4096 ->
  exists res, restore_memory mem (program_break m) (layout_metadata m) (regions m) = Some res
    /\ match res with
       | Ok m' => regions m' = regions m /\ program_break m' = program_break m
                  /\ layout_metadata m' = layout_metadata m /\ reserves m' = []
       | Err e => e = ENOMEM \/ e = EIO
       end.
Proof.
  intros Hok%reachable_mem_ok Hb Hc. destruct (restore_spec mem m Hok Hb Hc) as (res & E & H). exists res. split; [done|].
  destruct res; [|done]. by destruct H as (_ & H).
Qed.

(** Moving a range that is not mapped: the new region may be placed over the
    old range, which is then unmapped, so the address returned is only partly
    mapped. *)
Definition run_memory {A} (c : op MemoryManager A) (m : MemoryManager) : MemoryManager :=
  match c m with Some (m', _) => m' | None => m end.
Definition page : Z := 65536.
Definition blocked_at_two : MemoryManager := run_memory (mmap_anonymous witness_mem (MMAP_BASE + 2 * page) page 3 50) new.
Example mremap_of_unmapped_range :
  exists m', sys_mremap witness_mem (MMAP_BASE + page) page (2 * page) 1 blocked_at_two = Some (m', Ok MMAP_BASE)
    /\ at_byte (regions m') MMAP_BASE <> None /\ at_byte (regions m') (MMAP_BASE + page) = None.
Proof. eexists. split; [vm_compute; reflexivity|]. split; vm_compute; [discriminate|reflexivity]. Qed.

(** ** Witnesses *)

(** Two pages, a reserved one after them, and a fixed page over the second. *)
Definition one_mapping : MemoryManager := run_memory (mmap_anonymous witness_mem 0 (2 * page) 3 34) new.
Definition one_reserved : MemoryManager := run_memory (reserve_host_region witness_mem page) one_mapping.
Definition witness_space : MemoryManager := run_memory (mmap_anonymous witness_mem (MMAP_BASE + page) page 1 50) one_reserved.

Lemma witness_space_reachable : rtc mem_step new witness_space.
Proof.
  eapply rtc_l; [eapply (ms_mmap witness_mem 0 (2 * page) 3 34); [vm_compute; intuition discriminate..|vm_compute; reflexivity]|].
  eapply rtc_l; [eapply (ms_reserve witness_mem page); [vm_compute; discriminate|vm_compute; reflexivity]|].
  eapply rtc_l; [eapply (ms_mmap witness_mem (MMAP_BASE + page) page 1 50); [vm_compute; intuition discriminate..|vm_compute; reflexivity]|].
  vm_compute. apply rtc_refl.
Qed.

Lemma address_space_invariant_witness : mem_ok witness_space /\ munmap witness_mem MMAP_BASE page witness_space <> None.
Proof.
  destruct (address_space_invariant _ witness_space_reachable) as (H1 & _ & H3 & _). split; [exact H1|].
  apply H3; vm_compute; intuition discriminate.
Defined.

Lemma mmap_refines_byte_map_witness :
  exists m' x, mmap_anonymous witness_mem 0 10 3 34 witness_space = Some (m', Ok x) /\ x = MMAP_BASE + 3 * page
    /\ at_byte (regions m') (MMAP_BASE + page) = Some (1, 50).
Proof.
  destruct (mmap_refines_byte_map _ witness_mem 0 10 3 34 witness_space_reachable) as (m' & x & E & H); [vm_compute; intuition discriminate..|].
  exists m', x. split; [exact E|]. assert (x = MMAP_BASE + 3 * page) as -> by (vm_compute in E; injection E as _ <-; reflexivity).
  split; [reflexivity|]. destruct H as [[H _]|(k & Hk & _ & _ & Hb & _)]; [discriminate H|]. rewrite Hb.
  injection Hk as <-. reflexivity.
Defined.

Lemma munmap_refines_byte_map_witness :
  exists m', munmap witness_mem (MMAP_BASE + page) 100 witness_space = Some (m', Ok true)
    /\ at_byte (regions m') (MMAP_BASE + page) = None /\ at_byte (regions m') MMAP_BASE = Some (3, 34).
Proof.
  destruct (munmap_refines_byte_map _ witness_mem (MMAP_BASE + page) 100 witness_space_reachable) as (m' & res & E & H);
    [vm_compute; intuition discriminate|reflexivity|].
  exists m'. destruct res as [found|e]; [|vm_compute in E; discriminate E]. change (page_len 100) with (Some page) in H.
  destruct H as (Hb & Hf & _). split; [rewrite E, Hf; reflexivity|]. split; rewrite Hb; reflexivity.
Defined.

Lemma find_gap_is_lowest_witness : find_gap witness_space page = Some (MMAP_BASE + 3 * page)
  /\ ~ clear_of witness_space (MMAP_BASE + 2 * page, page).
Proof.
  pose proof (find_gap_is_lowest _ page witness_space_reachable) as H. split; [vm_compute; reflexivity|].
  change (find_gap witness_space page) with (Some (MMAP_BASE + 3 * page)) in H. apply H; [reflexivity|].
  vm_compute. intuition discriminate.
Defined.

Lemma brk_moves_iff_allowed_witness :
  let '(m', x) := set_brk (INITIAL_BRK + 100) witness_space in x = INITIAL_BRK + 100 /\ mappings m' = mappings witness_space.
Proof.
  pose proof (brk_moves_iff_allowed _ (INITIAL_BRK + 100) witness_space_reachable) as H.
  change (set_brk (INITIAL_BRK + 100) witness_space) with (with_break witness_space (INITIAL_BRK + 100), INITIAL_BRK + 100) in *.
  split; [reflexivity|apply H].
Defined.

Lemma mremap_moves_whole_region_witness :
  exists m', sys_mremap witness_mem MMAP_BASE 10 (3 * page) 1 witness_space = Some (m', Ok (MMAP_BASE + 3 * page))
    /\ at_byte (regions m') MMAP_BASE = None.
Proof.
  destruct (mremap_moves_whole_region _ witness_mem (mkRegion MMAP_BASE page 3 34) 10 (3 * page) 1 witness_space_reachable)
    as (m' & res & E & H); [left; reflexivity|reflexivity|reflexivity|discriminate|].
  exists m'. cbn [addr] in E. assert (res = Ok (MMAP_BASE + 3 * page)) as -> by (vm_compute in E; injection E as _ <-; reflexivity).
  split; [exact E|]. destruct H as (k & Hk & _ & Hr). injection Hk as <-.
  destruct Hr as [Hl _ _|_ Hx _|_ _ Hb]; [exfalso; apply Hl; reflexivity|discriminate Hx|]. rewrite Hb. reflexivity.
Defined.

Lemma fork_restores_memory_witness :
  exists m', restore_memory witness_mem INITIAL_BRK (layout_metadata witness_space) (regions witness_space) = Some (Ok m')
    /\ regions m' = regions witness_space /\ reserves m' = [].
Proof.
  destruct (fork_restores_memory _ witness_mem witness_space_reachable) as (res & E & H);
    [vm_compute; intuition discriminate|vm_compute; discriminate|].
  destruct res as [m'|e]; [|vm_compute in E; discriminate E]. exists m'. split; [exact E|]. split; apply H.
Defined.
