(* ===== verification/PreparedMap.v ===== *)
(** * The ordered map of the kernel (crates/runtime-core/src/prepared_map.rs)

    [PreparedMap] is an AVL tree whose nodes are allocated and charged to a
    budget before they are published, so that insertion itself cannot fail.
    The tree, its rebalancing, its iterators and the map operations are
    modelled; an [expect] on a missing child and an index past the iterator's
    fixed stack are panics ([None]). The budget reservation a node carries is
    accounted for elsewhere and left out of the node. *)

From S2P Require Import Prelude.

(** [Ord] of a key type, with the laws the trait documents. *)
Class OrdKey (K : Type) : Type := {
  cmp : K -> K -> comparison;
  cmp_eq : forall a b, cmp a b = Eq <-> a = b;
  cmp_antisym : forall a b, cmp b a = CompOpp (cmp a b);
  cmp_trans : forall a b c, cmp a b = Lt -> cmp b c = Lt -> cmp a c = Lt;
}.

#[refine, global] Instance Z_ordkey : OrdKey Z := {
  cmp := Z.compare;
  cmp_eq := Z.compare_eq_iff;
  cmp_antisym a b := Z.compare_antisym a b;
}.
Proof. intros a b c. rewrite !Z.compare_lt_iff. lia. Defined.

Section Tree.
Context {K V : Type} `{OrdKey K}.

(** [Link]: [None] is [Leaf], a boxed node carries its height. *)
Inductive tree : Type :=
  | Leaf
  | Node (left : tree) (key : K) (value : V) (right : tree) (node_height : Z).

Definition height (t : tree) : Z := match t with Leaf => 0 | Node _ _ _ _ h => h end.

(** A node after [update]. *)
Definition update (l : tree) (k : K) (v : V) (r : tree) : tree :=
  Node l k v r (1 + Z.max (height l) (height r)).

Definition rotate_left (root : tree) : option tree :=
  match root with
  | Node l k v (Node pl pk pv pr _) _ => Some (update (update l k v pl) pk pv pr)
  | _ => None
  end.

Definition rotate_right (root : tree) : option tree :=
  match root with
  | Node (Node pl pk pv pr _) k v r _ => Some (update pl pk pv (update pr k v r))
  | _ => None
  end.

(** [balance] of the node with these fields. *)
Definition balance (l : tree) (k : K) (v : V) (r : tree) : option tree :=
  if height r + 1 <? height l then
    match l with
    | Leaf => None
    | Node cl _ _ cr _ =>
        l' ← (if height cl <? height cr then rotate_left l else Some l);
        rotate_right (update l' k v r)
    end
  else if height l + 1 <? height r then
    match r with
    | Leaf => None
    | Node cl _ _ cr _ =>
        r' ← (if height cr <? height cl then rotate_right r else Some r);
        rotate_left (update l k v r')
    end
  else Some (update l k v r).

(** [insert]: the new tree and the entry that was displaced. *)
Fixpoint insert (root : tree) (k : K) (v : V) : option (tree * option (K * V)) :=
  match root with
  | Leaf => Some (Node Leaf k v Leaf 1, None)
  | Node l rk rv r h =>
      match cmp k rk with
      | Lt => '(child, prior) ← insert l k v; t ← balance child rk rv r; Some (t, prior)
      | Gt => '(child, prior) ← insert r k v; t ← balance l rk rv child; Some (t, prior)
      | Eq => Some (Node l k v r h, Some (rk, rv))
      end
  end.

(** [join]: every key of [left] is below the middle, every key of [right]
    above. The recursion goes down the higher side. *)
Fixpoint join (left : tree) (k : K) (v : V) : tree -> option tree :=
  fix join_right (right : tree) : option tree :=
    if height right + 1 <? height left then
      match left with
      | Leaf => None
      | Node ll lk lv lr _ => lr' ← join lr k v right; balance ll lk lv lr'
      end
    else if height left + 1 <? height right then
      match right with
      | Leaf => None
      | Node rl rk rv rr _ => rl' ← join_right rl; balance rl' rk rv rr
      end
    else Some (update left k v right).

Fixpoint take_min (root : tree) : option (tree * (K * V)) :=
  match root with
  | Leaf => None
  | Node Leaf k v r _ => Some (r, (k, v))
  | Node l k v r _ => '(l', minimum) ← take_min l; t ← balance l' k v r; Some (t, minimum)
  end.

(** Two subtrees without a middle: the minimum of the right one joins them. *)
Definition join_pair (l r : tree) : option tree :=
  match r with
  | Leaf => Some l
  | _ => '(r', (mk, mv)) ← take_min r; join l mk mv r'
  end.

Fixpoint remove (root : tree) (k : K) : option (tree * option (K * V)) :=
  match root with
  | Leaf => Some (Leaf, None)
  | Node l rk rv r _ =>
      match cmp k rk with
      | Lt => '(l', removed) ← remove l k; t ← balance l' rk rv r; Some (t, removed)
      | Gt => '(r', removed) ← remove r k; t ← balance l rk rv r'; Some (t, removed)
      | Eq => t ← join_pair l r; Some (t, Some (rk, rv))
      end
  end.

Fixpoint tree_for_each_mut (visit : V -> V) (root : tree) : tree :=
  match root with
  | Leaf => Leaf
  | Node l k v r h => Node (tree_for_each_mut visit l) k (visit v) (tree_for_each_mut visit r) h
  end.

(** [retain]: [keep k v] is [Some v'] when the entry stays, with the value
    the callback leaves in it. *)
Fixpoint tree_retain (keep : K -> V -> option V) (root : tree) : option (tree * Z) :=
  match root with
  | Leaf => Some (Leaf, 0)
  | Node l k v r _ =>
      '(l', n1) ← tree_retain keep l;
      '(r', n2) ← tree_retain keep r;
      match keep k v with
      | Some v' => t ← join l' k v' r'; Some (t, n1 + n2)
      | None => t ← join_pair l' r'; Some (t, n1 + n2 + 1)
      end
  end.

Fixpoint tree_get (root : tree) (k : K) : option V :=
  match root with
  | Leaf => None
  | Node l nk nv r _ =>
      match cmp k nk with Lt => tree_get l k | Gt => tree_get r k | Eq => Some nv end
  end.

(** [get_mut] followed by the caller's assignment. *)
Fixpoint tree_get_mut (root : tree) (k : K) (f : V -> V) : tree :=
  match root with
  | Leaf => Leaf
  | Node l nk nv r h =>
      match cmp k nk with
      | Lt => Node (tree_get_mut l k f) nk nv r h
      | Gt => Node l nk nv (tree_get_mut r k f) h
      | Eq => Node l nk (f nv) r h
      end
  end.

Fixpoint tree_at_or_before (root : tree) (k : K) (predecessor : option (K * V))
    : option (K * V) :=
  match root with
  | Leaf => predecessor
  | Node l nk nv r _ =>
      match cmp k nk with
      | Lt => tree_at_or_before l k predecessor
      | Eq => Some (nk, nv)
      | Gt => tree_at_or_before r k (Some (nk, nv))
      end
  end.

Fixpoint tree_last (root : tree) : option (K * V) :=
  match root with
  | Leaf => None
  | Node _ k v Leaf _ => Some (k, v)
  | Node _ _ _ r _ => tree_last r
  end.

Fixpoint tree_next_after (root : tree) (k : K) (successor : option (K * V)) : option (K * V) :=
  match root with
  | Leaf => successor
  | Node l nk nv r _ =>
      match cmp k nk with
      | Lt => tree_next_after l k (Some (nk, nv))
      | _ => tree_next_after r k successor
      end
  end.
End Tree.
Arguments tree K V : clear implicits.

(** [PreparedMap] and its operations; a prepared entry is its key and value. *)
Record PreparedMap (K V : Type) : Type := mkMap { root : tree K V; length : Z }.
Arguments mkMap {K V} root length.
Arguments root {K V} _.
Arguments length {K V} _.

(** [usize::BITS as usize * 2]. *)
Definition ITERATOR_DEPTH : Z := 64.

Section Map.
Context {K V : Type} `{OrdKey K}.

Definition new : PreparedMap K V := mkMap Leaf 0.
Definition get (m : PreparedMap K V) (k : K) : option V := tree_get (root m) k.
Definition contains_key (m : PreparedMap K V) (k : K) : bool := bool_decide (is_Some (get m k)).
Definition get_mut (m : PreparedMap K V) (k : K) (f : V -> V) : PreparedMap K V :=
  mkMap (tree_get_mut (root m) k f) (length m).
Definition at_or_before (m : PreparedMap K V) (k : K) : option (K * V) :=
  tree_at_or_before (root m) k None.
Definition last_key_value (m : PreparedMap K V) : option (K * V) := tree_last (root m).
Definition next_after (m : PreparedMap K V) (k : K) : option (K * V) :=
  tree_next_after (root m) k None.

Definition insert_prepared (m : PreparedMap K V) (k : K) (v : V)
    : option (PreparedMap K V * option (K * V)) :=
  '(root', prior) ← insert (root m) k v;
  Some (mkMap root' (if bool_decide (prior = None) then length m + 1 else length m), prior).

Definition remove_entry (m : PreparedMap K V) (k : K)
    : option (PreparedMap K V * option (K * V)) :=
  '(root', removed) ← remove (root m) k;
  Some (mkMap root' (if bool_decide (removed = None) then length m else length m - 1), removed).

Definition pop_first (m : PreparedMap K V) : option (PreparedMap K V * option (K * V)) :=
  match root m with
  | Leaf => Some (m, None)
  | _ => '(root', first) ← take_min (root m); Some (mkMap root' (length m - 1), Some first)
  end.

Definition for_each_mut (visit : V -> V) (m : PreparedMap K V) : PreparedMap K V :=
  mkMap (tree_for_each_mut visit (root m)) (length m).

Definition retain (keep : K -> V -> option V) (m : PreparedMap K V) : option (PreparedMap K V) :=
  '(root', removed) ← tree_retain keep (root m); Some (mkMap root' (length m - removed)).

(** [prepare_io] refuses a key in use before it reserves ([admitted] is the
    outcome of the reservation); [publish_io] asserts the key is still free. *)
Definition prepare_io (m : PreparedMap K V) (admitted : bool) (k : K) (v : V) : result (K * V) :=
  if contains_key m k then Err EEXIST else if admitted then Ok (k, v) else Err ENOMEM.

Definition publish_io (m : PreparedMap K V) (prepared : K * V) : option (PreparedMap K V) :=
  if contains_key m (fst prepared) then None
  else '(m', _) ← insert_prepared m (fst prepared) (snd prepared); Some m'.

Definition try_insert_io (m : PreparedMap K V) (admitted : bool) (k : K) (v : V)
    : option (PreparedMap K V * result (option V)) :=
  match get m k with
  | Some existing => Some (get_mut m k (fun _ => v), Ok (Some existing))
  | None =>
      match prepare_io m admitted k v with
      | Err e => Some (m, Err e)
      | Ok prepared => m' ← publish_io m prepared; Some (m', Ok None)
      end
  end.

(** [MapIter]: a fixed stack of nodes whose top is the head of the list. *)
Record MapIter : Type := mkIter { stack : list (tree K V); remaining : Z }.

Fixpoint push_left (current : tree K V) (st : list (tree K V)) : option (list (tree K V)) :=
  match current with
  | Leaf => Some st
  | Node l _ _ _ _ =>
      if lenZ st <? ITERATOR_DEPTH then push_left l (current :: st) else None
  end.

Definition iter (m : PreparedMap K V) : option MapIter :=
  st ← push_left (root m) []; Some (mkIter st (length m)).

Definition next (it : MapIter) : option (MapIter * option (K * V)) :=
  if remaining it =? 0 then Some (it, None)
  else match stack it with
       | Node _ k v r _ :: rest =>
           st ← push_left r rest; Some (mkIter st (remaining it - 1), Some (k, v))
       | _ => None
       end.

(** The items of at most [n] calls of [next]. *)
Fixpoint collect (n : nat) (it : MapIter) : option (list (K * V)) :=
  match n with
  | O => Some []
  | S n' =>
      '(it', item) ← next it;
      match item with
      | None => Some []
      | Some kv => rest ← collect n' it'; Some (kv :: rest)
      end
  end.

(** [MapRange] over the keys in [start, end). *)
Fixpoint push_from (start : K) (current : tree K V) (st : list (tree K V))
    : option (list (tree K V)) :=
  match current with
  | Leaf => Some st
  | Node l k _ r _ =>
      if bool_decide (cmp k start <> Lt)
      then (if lenZ st <? ITERATOR_DEPTH then push_from start l (current :: st) else None)
      else push_from start r st
  end.

Definition range (m : PreparedMap K V) (start : K) : option (list (tree K V)) :=
  push_from start (root m) [].

Definition range_next (end_ : K) (st : list (tree K V))
    : option (list (tree K V) * option (K * V)) :=
  match st with
  | [] => Some ([], None)
  | Node _ k v r _ :: rest =>
      if bool_decide (cmp k end_ <> Lt) then Some ([], None)
      else st' ← push_left r rest; Some (st', Some (k, v))
  | Leaf :: _ => None
  end.

Fixpoint range_collect (n : nat) (end_ : K) (st : list (tree K V)) : option (list (K * V)) :=
  match n with
  | O => Some []
  | S n' =>
      '(st', item) ← range_next end_ st;
      match item with
      | None => Some []
      | Some kv => rest ← range_collect n' end_ st'; Some (kv :: rest)
      end
  end.
End Map.
Arguments MapIter K V : clear implicits.

(** ** Balance *)

Section Balance.
Context {K V : Type} `{OrdKey K}.
Implicit Types (l r t : tree K V) (k : K) (v : V).

Fixpoint elements t : list (K * V) :=
  match t with Leaf => [] | Node l k v r _ => elements l ++ (k, v) :: elements r end.

(** The stored heights are the heights and siblings differ by at most one. *)
Fixpoint avl t : Prop :=
  match t with
  | Leaf => True
  | Node l _ _ r h => avl l /\ avl r /\ h = 1 + Z.max (height l) (height r)
      /\ -1 <= height l - height r <= 1
  end.

Lemma height_nonneg t : avl t -> 0 <= height t.
Proof. induction t as [|l IHl k v r IHr h]; simpl; [done|]. intros (Hl & Hr & -> & _).
       specialize (IHl Hl). lia. Qed.

(** What rebalancing guarantees for subtrees at most two levels apart. *)
Record balanced l k v r t : Prop := {
  bal_avl : avl t;
  bal_elements : elements t = elements l ++ (k, v) :: elements r;
  bal_low : Z.max (height l) (height r) <= height t <= 1 + Z.max (height l) (height r);
  bal_same : -1 <= height l - height r <= 1 -> height t = 1 + Z.max (height l) (height r);
}.

(** Close a rotation: the shape is known, the heights are arithmetic. *)
Ltac solve_balanced :=
  split; simpl in *; [intuition lia | by rewrite <- ?app_assoc; simpl; rewrite <- ?app_assoc | lia | lia].

Lemma balance_left_spec l k v r : avl l -> avl r -> height l = height r + 2 ->
  exists t, balance l k v r = Some t /\ balanced l k v r t.
Proof.
  intros Hl Hr Hh. pose proof (height_nonneg r Hr). unfold balance.
  rewrite (proj2 (Z.ltb_lt _ _)) by lia.
  destruct l as [|ll lk lv lr lh]; [simpl in *; lia|]. destruct Hl as (Hll & Hlr & -> & Hd).
  pose proof (height_nonneg ll Hll). pose proof (height_nonneg lr Hlr).
  destruct (Z.ltb_spec (height ll) (height lr)).
  - destruct lr as [|a ak av b lrh]; [simpl in *; lia|]. destruct Hlr as (Ha & Hb & -> & Hd').
    simpl. eexists. split; [done|]. solve_balanced.
  - simpl. eexists. split; [done|]. solve_balanced.
Qed.

Lemma balance_right_spec l k v r : avl l -> avl r -> height r = height l + 2 ->
  exists t, balance l k v r = Some t /\ balanced l k v r t.
Proof.
  intros Hl Hr Hh. pose proof (height_nonneg l Hl). unfold balance.
  rewrite (proj2 (Z.ltb_ge _ _)) by lia. rewrite (proj2 (Z.ltb_lt _ _)) by lia.
  destruct r as [|rl rk rv rr rh]; [simpl in *; lia|]. destruct Hr as (Hrl & Hrr & -> & Hd).
  pose proof (height_nonneg rl Hrl). pose proof (height_nonneg rr Hrr).
  destruct (Z.ltb_spec (height rr) (height rl)).
  - destruct rl as [|a ak av b rlh]; [simpl in *; lia|]. destruct Hrl as (Ha & Hb & -> & Hd').
    simpl. eexists. split; [done|]. solve_balanced.
  - simpl. eexists. split; [done|]. solve_balanced.
Qed.

Lemma update_balanced l k v r : avl l -> avl r -> -1 <= height l - height r <= 1 ->
  balanced l k v r (update l k v r).
Proof. intros. by split; simpl; [|done|lia|]. Qed.

Lemma balance_spec l k v r : avl l -> avl r -> -2 <= height l - height r <= 2 ->
  exists t, balance l k v r = Some t /\ balanced l k v r t.
Proof.
  intros Hl Hr Hd. destruct (decide (height l = height r + 2)); [by apply balance_left_spec|].
  destruct (decide (height r = height l + 2)); [by apply balance_right_spec|].
  exists (update l k v r). split; [|apply update_balanced; [done..|lia]].
  unfold balance. by rewrite !(proj2 (Z.ltb_ge _ _)) by lia.
Qed.
End Balance.

(** ** Sorted association lists, the abstract map *)

Section Assoc.
Context {K V : Type} `{OrdKey K}.
Implicit Types (es : list (K * V)) (k : K) (v : V).

Definition klt (a b : K * V) : Prop := cmp (fst a) (fst b) = Lt.
Definition ksorted es : Prop := StronglySorted klt es.

Fixpoint list_insert k v es : list (K * V) :=
  match es with
  | [] => [(k, v)]
  | (k', v') :: es' =>
      match cmp k k' with
      | Lt => (k, v) :: es
      | Eq => (k, v) :: es'
      | Gt => (k', v') :: list_insert k v es'
      end
  end.

Definition list_remove k es : list (K * V) :=
  List.filter (fun kv => bool_decide (cmp k (fst kv) <> Eq)) es.

(** The entry with a key. *)
Definition list_entry k es : option (K * V) :=
  List.find (fun kv => bool_decide (cmp k (fst kv) = Eq)) es.

Lemma cmp_refl k : cmp k k = Eq.
Proof. by apply cmp_eq. Qed.

Lemma cmp_flip a b : cmp a b = Lt <-> cmp b a = Gt.
Proof. rewrite (cmp_antisym a b). destruct (cmp a b); simpl; split; congruence. Qed.

Lemma klt_trans a b c : klt a b -> klt b c -> klt a c.
Proof. unfold klt. apply cmp_trans. Qed.

Lemma ksorted_app l1 l2 : ksorted (l1 ++ l2) <->
  ksorted l1 /\ ksorted l2 /\ forall x y, In x l1 -> In y l2 -> klt x y.
Proof.
  unfold ksorted. induction l1 as [|x l1 IH]; simpl.
  - split; [|tauto]. intros. split_and!; [constructor|done|tauto].
  - split.
    + intros Hs. apply StronglySorted_inv in Hs as [Hs Hall].
      apply IH in Hs as (H1 & H2 & H3). rewrite List.Forall_forall in Hall.
      split_and!; [constructor; [done|]|done|].
      * apply List.Forall_forall. intros y Hy. apply Hall, in_app_iff. auto.
      * intros a b [<-|Ha] Hb; [apply Hall, in_app_iff|]; auto.
    + intros (H1 & H2 & H3). apply StronglySorted_inv in H1 as [H1 Hall].
      rewrite List.Forall_forall in Hall.
      constructor; [apply IH; split_and!; auto|]. apply List.Forall_forall.
      intros y [Hy|Hy]%in_app_iff; auto.
Qed.

Lemma ksorted_cons x l : ksorted (x :: l) <-> ksorted l /\ forall y, In y l -> klt x y.
Proof.
  change (x :: l) with ([x] ++ l). rewrite ksorted_app. split.
  - intros (_ & ? & Hx). split; [done|]. intros y Hy. apply Hx; simpl; auto.
  - intros [? Hx]. split_and!; [by repeat constructor|done|]. intros a b [<-|[]] Hb. auto.
Qed.

(** The keys around a node of a search tree. *)
Lemma ksorted_node l k v r : ksorted (l ++ (k, v) :: r) <->
  ksorted l /\ ksorted r /\ (forall x, In x l -> cmp (fst x) k = Lt)
  /\ (forall x, In x r -> cmp k (fst x) = Lt).
Proof.
  rewrite ksorted_app, ksorted_cons. unfold klt. simpl. split.
  - intros (H1 & [H2 H3] & H4). split_and!; auto. intros x Hx. apply (H4 x (k, v)); auto.
  - intros (H1 & H2 & H3 & H4). split_and!; auto. intros x y Hx [<-|Hy]; simpl; auto.
    eapply cmp_trans; eauto.
Qed.

Lemma list_insert_lt k v l k' v' r : cmp k k' = Lt ->
  list_insert k v (l ++ (k', v') :: r) = list_insert k v l ++ (k', v') :: r.
Proof.
  intros Hk. induction l as [|[a b] l IH]; simpl; [by rewrite Hk|].
  destruct (cmp k a); [done|done|]. by rewrite IH.
Qed.

Lemma list_insert_skip k v l r : (forall x, In x l -> cmp (fst x) k = Lt) ->
  list_insert k v (l ++ r) = l ++ list_insert k v r.
Proof.
  induction l as [|[a b] l IH]; simpl; [done|]. intros Hl.
  rewrite (proj1 (cmp_flip a k) (Hl (a, b) (or_introl eq_refl))). rewrite IH by auto. done.
Qed.

Lemma in_list_insert k v es x : In x (list_insert k v es) -> x = (k, v) \/ In x es.
Proof.
  induction es as [|[a b] es IH]; simpl; [by intros [<-|[]]; left|].
  destruct (cmp k a); simpl; intuition.
Qed.

Lemma list_insert_sorted k v es : ksorted es -> ksorted (list_insert k v es).
Proof.
  induction es as [|[a b] es IH]; simpl; [by repeat constructor|].
  intros Hs. pose proof (proj1 (ksorted_cons _ _) Hs) as [Hes Hall]. destruct (cmp k a) eqn:E.
  - apply cmp_eq in E as ->. apply ksorted_cons. split; [done|]. intros y Hy. by apply (Hall y).
  - apply ksorted_cons. split; [done|]. intros y [<-|Hy]; [done|].
    eapply klt_trans; [|by apply Hall]. done.
  - apply ksorted_cons. split; [auto|]. intros y [->|Hy]%in_list_insert; [|auto].
    unfold klt. simpl. by apply cmp_flip.
Qed.

Lemma filter_skip (p : K * V -> bool) l : (forall x, In x l -> p x = true) -> List.filter p l = l.
Proof.
  induction l as [|x l IH]; simpl; [done|]. intros Hl. rewrite Hl by auto. f_equal. auto.
Qed.

Lemma find_skip (p : K * V -> bool) l r : (forall x, In x l -> p x = false) ->
  List.find p (l ++ r) = List.find p r.
Proof. induction l as [|x l IH]; simpl; [done|]. intros Hl. rewrite Hl by auto. auto. Qed.

Lemma find_absent (p : K * V -> bool) l : (forall x, In x l -> p x = false) -> List.find p l = None.
Proof. intros Hl. rewrite <- (app_nil_r l). by rewrite find_skip. Qed.

Lemma cmp_ne_lt a k : cmp a k = Lt -> cmp k a <> Eq.
Proof. intros Ha%cmp_flip. congruence. Qed.

Lemma list_entry_node k l k' v' r : ksorted (l ++ (k', v') :: r) ->
  list_entry k (l ++ (k', v') :: r)
  = match cmp k k' with Lt => list_entry k l | Eq => Some (k', v') | Gt => list_entry k r end.
Proof.
  intros (_ & _ & Hl & Hr)%ksorted_node. unfold list_entry. set (p := fun kv => _).
  destruct (cmp k k') eqn:E.
  - rewrite find_skip; [simpl; unfold p at 1; simpl; by rewrite E|].
    apply cmp_eq in E as ->. intros x Hx. apply bool_decide_eq_false_2. by apply cmp_ne_lt, Hl.
  - assert (List.find p ((k', v') :: r) = None) as Hn.
    { apply find_absent. intros x Hx. apply bool_decide_eq_false_2.
      assert (cmp k (fst x) = Lt); [|congruence].
      destruct Hx as [<-|Hx]; [done|]. eapply cmp_trans; eauto. }
    clear Hl. induction l as [|y l IH]; simpl in *; [done|]. by destruct (p y).
  - rewrite find_skip; [simpl; unfold p at 1; simpl; by rewrite E|].
    intros x Hx. apply bool_decide_eq_false_2, cmp_ne_lt.
    eapply cmp_trans; [by apply Hl|by apply cmp_flip].
Qed.

Lemma list_remove_node k l k' v' r : ksorted (l ++ (k', v') :: r) ->
  list_remove k (l ++ (k', v') :: r)
  = match cmp k k' with
    | Lt => list_remove k l ++ (k', v') :: r
    | Eq => l ++ r
    | Gt => l ++ (k', v') :: list_remove k r
    end.
Proof.
  intros (_ & _ & Hl & Hr)%ksorted_node. unfold list_remove. rewrite List.filter_app. simpl.
  destruct (cmp k k') eqn:E; simpl.
  - apply cmp_eq in E as ->. f_equal; apply filter_skip; intros x Hx; apply bool_decide_eq_true_2.
    + by apply cmp_ne_lt, Hl.
    + rewrite (Hr x Hx). done.
  - do 2 f_equal. apply filter_skip. intros x Hx. apply bool_decide_eq_true_2.
    rewrite (cmp_trans k k' (fst x)); auto.
  - f_equal. apply filter_skip. intros x Hx. apply bool_decide_eq_true_2, cmp_ne_lt.
    eapply cmp_trans; [by apply Hl|by apply cmp_flip].
Qed.
End Assoc.

(** ** Tree operations implement the list operations *)

Section Spec.
Context {K V : Type} `{OrdKey K}.
Implicit Types (l r t : tree K V) (k : K) (v : V).

Lemma insert_spec t k v : avl t -> ksorted (elements t) ->
  exists t', insert t k v = Some (t', list_entry k (elements t)) /\ avl t'
    /\ elements t' = list_insert k v (elements t) /\ height t <= height t' <= height t + 1.
Proof.
  induction t as [|l IHl rk rv r IHr h]; intros Ha Hs.
  { eexists. split; [done|]. simpl. split_and!; auto; lia. }
  destruct Ha as (Hl & Hr & -> & Hd). simpl in Hs.
  pose proof (proj1 (ksorted_node _ _ _ _) Hs) as (Hsl & Hsr & Hlk & Hrk).
  simpl. rewrite list_entry_node by done. destruct (cmp k rk) eqn:E.
  - eexists. split; [done|]. simpl. split_and!; auto; try lia.
    apply cmp_eq in E as ->. rewrite list_insert_skip by done. simpl. by rewrite cmp_refl.
  - destruct (IHl Hl Hsl) as (l' & -> & Hl' & He & Hh). simpl.
    destruct (balance_spec l' rk rv r) as (t' & -> & [B1 B2 B3 B4]); [done..|lia|].
    exists t'. split; [done|]. rewrite B2, He, list_insert_lt by done. split_and!; [done..| |]; lia.
  - destruct (IHr Hr Hsr) as (r' & -> & Hr' & He & Hh). simpl.
    destruct (balance_spec l rk rv r') as (t' & -> & [B1 B2 B3 B4]); [done..|lia|].
    exists t'. split; [done|]. rewrite B2, He, list_insert_skip; [simpl; rewrite E; split_and!; auto; lia|].
    intros x Hx. eapply cmp_trans; [by apply Hlk|by apply cmp_flip].
Qed.

(** The three branches of [join], whichever side the recursion is on. *)
Lemma join_unfold l k v r : join l k v r =
  if height r + 1 <? height l then
    match l with
    | Leaf => None
    | Node ll lk lv lr _ => lr' ← join lr k v r; balance ll lk lv lr'
    end
  else if height l + 1 <? height r then
    match r with
    | Leaf => None
    | Node rl rk rv rr _ => rl' ← join l k v rl; balance rl' rk rv rr
    end
  else Some (update l k v r).
Proof. by destruct l, r. Qed.

Definition joined l k v r t : Prop :=
  avl t /\ elements t = elements l ++ (k, v) :: elements r
  /\ Z.max (height l) (height r) <= height t <= 1 + Z.max (height l) (height r)
  /\ (-1 <= height l - height r <= 1 -> height t = 1 + Z.max (height l) (height r)).

Lemma join_spec l : avl l -> forall k v r, avl r ->
  exists t, join l k v r = Some t /\ joined l k v r t.
Proof.
  induction l as [|ll _ lk lv lr IHlr lh]; intros Hl k v r; induction r as [|rl IHrl rk rv rr _ rh];
    intros Hr; rewrite join_unfold; unfold joined;
    pose proof (height_nonneg _ Hl); pose proof (height_nonneg _ Hr).
  1: by eexists; (split; [done|]); simpl; split_and!; [done..|lia|lia|lia].
  all: match goal with |- context [height ?r + 1 <? height ?l] =>
         destruct (Z.ltb_spec (height r + 1) (height l)); [|destruct (Z.ltb_spec (height l + 1) (height r))] end.
  all: try (simpl in *; lia).
  all: try (eexists; split; [done|]; destruct (update_balanced _ k v _ Hl Hr) as [B1 B2 B3 B4];
            [lia|]; split_and!; [done|done|lia|lia|lia]).
  - destruct Hr as (Hrl & Hrr & -> & Hd). destruct (IHrl Hrl) as (rl' & -> & Hrl' & He & Hh & _).
    destruct (balance_spec rl' rk rv rr) as (t' & Hb & [B1 B2 B3 B4]); [done..|simpl in *; lia|].
    exists t'. split; [done|]. rewrite B2, He. simpl in *. split_and!; [done|done|lia|lia|lia].
  - destruct Hl as (Hll & Hlr & -> & Hd). destruct (IHlr Hlr k v Leaf I) as (lr' & -> & Hlr' & He & Hh & _).
    destruct (balance_spec ll lk lv lr') as (t' & Hb & [B1 B2 B3 B4]); [done..|simpl in *; lia|].
    exists t'. split; [done|]. rewrite B2, He. simpl in *. rewrite <- app_assoc. split_and!; [done|done|lia|lia|lia].
  - pose proof Hl as (Hll & Hlr & -> & Hd).
    destruct (IHlr Hlr k v (Node rl rk rv rr rh) Hr) as (lr' & -> & Hlr' & He & Hh & _).
    destruct (balance_spec ll lk lv lr') as (t' & Hb & [B1 B2 B3 B4]); [done..|simpl in *; lia|].
    exists t'. split; [done|]. rewrite B2, He. simpl in *. rewrite <- app_assoc. split_and!; [done|done|lia|lia|lia].
  - pose proof Hr as (Hrl & Hrr & -> & Hd). destruct (IHrl Hrl) as (rl' & -> & Hrl' & He & Hh & _).
    destruct (balance_spec rl' rk rv rr) as (t' & Hb & [B1 B2 B3 B4]); [done..|simpl in *; lia|].
    exists t'. split; [done|]. rewrite B2, He. simpl in *. rewrite <- !app_assoc. split_and!; [done|done|lia|lia|lia].
Qed.

Lemma take_min_spec t : avl t -> t <> Leaf ->
  exists t' kv, take_min t = Some (t', kv) /\ avl t' /\ elements t = kv :: elements t'
    /\ height t - 1 <= height t' <= height t.
Proof.
  induction t as [|l IHl k v r _ h]; intros Ha Hne; [done|]. destruct Ha as (Hl & Hr & -> & Hd).
  destruct l as [|ll lk lv lr lh] eqn:El.
  { eexists _, _. split; [done|]. simpl in *. pose proof (height_nonneg r Hr). split_and!; auto; lia. }
  rewrite <- El in *. destruct (IHl Hl) as (l' & kv & Hm & Hl' & He & Hh); [by rewrite El|].
  destruct (balance_spec l' k v r) as (t' & Hb & [B1 B2 B3 B4]); [done..|lia|].
  exists t', kv. split; [rewrite El in Hm |- *; simpl; simpl in Hm; rewrite Hm; simpl; by rewrite Hb|].
  cbn [elements height]. rewrite He, B2. split_and!; [done|done|lia|lia].
Qed.

Lemma join_pair_spec l r : avl l -> avl r ->
  exists t, join_pair l r = Some t /\ avl t /\ elements t = elements l ++ elements r
    /\ Z.max (height l) (height r - 1) <= height t <= 1 + Z.max (height l) (height r)
    /\ (-1 <= height l - height r <= 1 -> Z.max (height l) (height r) <= height t).
Proof.
  intros Hl Hr. pose proof (height_nonneg l Hl). destruct r as [|rl rk rv rr rh] eqn:Er.
  { exists l. split; [done|]. simpl. rewrite app_nil_r. split_and!; [done..|lia|lia|]. simpl; lia. }
  rewrite <- Er in *. destruct (take_min_spec r Hr) as (r' & [mk mv] & Hm & Hr' & He & Hh); [by rewrite Er|].
  destruct (join_spec l Hl mk mv r' Hr') as (t & Hj & Ht & Het & Hht & Hhs).
  exists t. split; [rewrite Er in Hm |- *; unfold join_pair; rewrite Hm; done|].
  rewrite He, Het. split_and!; [done|done|lia|lia|]. lia.
Qed.

Lemma remove_spec t k : avl t -> ksorted (elements t) ->
  exists t', remove t k = Some (t', list_entry k (elements t)) /\ avl t'
    /\ elements t' = list_remove k (elements t) /\ height t - 1 <= height t' <= height t.
Proof.
  induction t as [|l IHl rk rv r IHr h]; intros Ha Hs.
  { eexists. split; [done|]. simpl. split_and!; [done..|lia|lia]. }
  destruct Ha as (Hl & Hr & -> & Hd). simpl in Hs.
  pose proof (proj1 (ksorted_node _ _ _ _) Hs) as (Hsl & Hsr & _ & _).
  simpl. rewrite list_entry_node, list_remove_node by done. destruct (cmp k rk) eqn:E.
  - destruct (join_pair_spec l r Hl Hr) as (t & -> & Ht & He & Hh & Hhs). simpl.
    exists t. split; [done|]. specialize (Hhs Hd). split_and!; [done|done|lia|lia].
  - destruct (IHl Hl Hsl) as (l' & -> & Hl' & He & Hh). simpl.
    destruct (balance_spec l' rk rv r) as (t' & -> & [B1 B2 B3 B4]); [done..|lia|].
    exists t'. split; [done|]. rewrite B2, He. split_and!; [done|done|lia|lia].
  - destruct (IHr Hr Hsr) as (r' & -> & Hr' & He & Hh). simpl.
    destruct (balance_spec l rk rv r') as (t' & -> & [B1 B2 B3 B4]); [done..|lia|].
    exists t'. split; [done|]. rewrite B2, He. split_and!; [done|done|lia|lia].
Qed.

(** The entries [retain] keeps. *)
Definition list_retain (keep : K -> V -> option V) (es : list (K * V)) : list (K * V) :=
  omap (fun kv => option_map (pair (fst kv)) (keep (fst kv) (snd kv))) es.

Lemma list_retain_app keep es1 es2 :
  list_retain keep (es1 ++ es2) = list_retain keep es1 ++ list_retain keep es2.
Proof. apply omap_app. Qed.

Lemma tree_retain_spec keep t : avl t ->
  exists t', tree_retain keep t
      = Some (t', lenZ (elements t) - lenZ (list_retain keep (elements t))) /\ avl t'
    /\ elements t' = list_retain keep (elements t).
Proof.
  induction t as [|l IHl k v r IHr h]; intros Ha; [by eexists|].
  destruct Ha as (Hl & Hr & -> & Hd). cbn [tree_retain elements].
  destruct (IHl Hl) as (l' & -> & Hl' & He1). destruct (IHr Hr) as (r' & -> & Hr' & He2).
  cbn [mbind option_bind].
  rewrite list_retain_app. rewrite <- He1.
  assert (list_retain keep ((k, v) :: elements r)
    = match keep k v with Some v' => [(k, v')] | None => [] end ++ elements r') as ->
    by (rewrite He2; unfold list_retain; simpl; by destruct (keep k v)).
  destruct (keep k v) as [v'|]; simpl.
  - destruct (join_spec l' Hl' k v' r' Hr') as (t & -> & Ht & He & _). simpl.
    exists t. split; [|done]. do 2 f_equal. rewrite <- He2, !length_app. simpl. lia.
  - destruct (join_pair_spec l' r' Hl' Hr') as (t & -> & Ht & He & _). simpl.
    exists t. split; [|done]. do 2 f_equal. rewrite <- He2, !length_app. simpl. lia.
Qed.
End Spec.

(** ** The map invariant and the abstract map *)

Section MapSpec.
Context {K V : Type} `{OrdKey K} `{Countable K}.
Implicit Types (m : PreparedMap K V) (t : tree K V) (k : K) (v : V).

Record map_ok m : Prop := {
  ok_avl : avl (root m);
  ok_sorted : ksorted (elements (root m));
  ok_length : length m = lenZ (elements (root m));
}.

(** The finite map a [PreparedMap] stands for. *)
Definition to_gmap m : gmap K V := list_to_map (elements (root m)).

Lemma cmp_decide k k' : bool_decide (cmp k k' = Eq) = bool_decide (k = k').
Proof. apply bool_decide_ext, cmp_eq. Qed.

Lemma list_to_map_entry (es : list (K * V)) k :
  (list_to_map es : gmap K V) !! k = snd <$> list_entry k es.
Proof.
  induction es as [|[k' v'] es IH]; simpl; [done|]. unfold list_entry in *. simpl.
  rewrite cmp_decide. case_bool_decide; simplify_map_eq; done.
Qed.

Lemma list_entry_insert k v (es : list (K * V)) k' :
  snd <$> list_entry k' (list_insert k v es)
  = if decide (k' = k) then Some v else snd <$> list_entry k' es.
Proof.
  unfold list_entry. induction es as [|[a b] es IH]; simpl.
  { rewrite cmp_decide. by case_bool_decide; case_decide. }
  destruct (cmp k a) eqn:E; simpl; rewrite ?cmp_decide.
  - apply cmp_eq in E as <-. by case_bool_decide; case_decide.
  - by case_bool_decide; case_decide.
  - case_bool_decide as Hk; [|done]. simpl. subst a.
    case_decide as Hk'; [|done]. subst k'. by rewrite cmp_refl in E.
Qed.

Lemma list_entry_remove k (es : list (K * V)) k' :
  snd <$> list_entry k' (list_remove k es)
  = if decide (k' = k) then None else snd <$> list_entry k' es.
Proof.
  unfold list_entry, list_remove. induction es as [|[a b] es IH]; simpl; [by case_decide|].
  rewrite cmp_decide. destruct (decide (k = a)) as [<-|Hne].
  - rewrite (bool_decide_eq_false_2 (cmp k k <> Eq)) by (rewrite cmp_refl; auto).
    rewrite IH. case_decide; [done|]. by rewrite bool_decide_eq_false_2 by done.
  - rewrite (bool_decide_eq_true_2 (cmp k a <> Eq)) by (rewrite cmp_eq; done). simpl.
    rewrite cmp_decide. case_bool_decide as Hk; [|done]. subst a. by case_decide.
Qed.

Lemma tree_get_spec t k : ksorted (elements t) -> tree_get t k = snd <$> list_entry k (elements t).
Proof.
  induction t as [|l IHl nk nv r IHr h]; simpl; [done|]. intros Hs.
  rewrite list_entry_node by done. apply ksorted_node in Hs as (? & ? & _ & _).
  destruct (cmp k nk); auto.
Qed.

Lemma get_to_gmap m k : map_ok m -> get m k = to_gmap m !! k.
Proof. intros Hm. unfold get, to_gmap. by rewrite tree_get_spec, list_to_map_entry by apply Hm. Qed.

Lemma list_remove_sorted k (es : list (K * V)) : ksorted es -> ksorted (list_remove k es).
Proof.
  unfold list_remove. induction es as [|x es IH]; simpl; [done|]. intros [Hes Hall]%ksorted_cons.
  case_bool_decide; [|auto]. apply ksorted_cons. split; [auto|]. intros y [Hy _]%filter_In. auto.
Qed.

Lemma list_remove_length k (es : list (K * V)) : ksorted es ->
  lenZ (list_remove k es)
  = (if bool_decide (list_entry k es = None) then lenZ es else lenZ es - 1).
Proof.
  induction es as [|[a b] es IH]; [done|]. intros Hs.
  pose proof (list_remove_node k [] a b es Hs) as Hr. pose proof (list_entry_node k [] a b es Hs) as He.
  cbn [app] in Hr, He. rewrite Hr, He. apply ksorted_cons in Hs as [Hs _]. specialize (IH Hs).
  destruct (cmp k a); simpl; [lia|lia|]. case_bool_decide; simpl in *; lia.
Qed.

Lemma list_insert_length k v (es : list (K * V)) : ksorted es ->
  lenZ (list_insert k v es)
  = (if bool_decide (list_entry k es = None) then lenZ es + 1 else lenZ es).
Proof.
  induction es as [|[a b] es IH]; [done|]. intros Hs.
  pose proof (list_entry_node k [] a b es Hs) as He. cbn [app] in He. rewrite He.
  apply ksorted_cons in Hs as [Hs _]. specialize (IH Hs). simpl.
  destruct (cmp k a); simpl; [done|lia|]. case_bool_decide; lia.
Qed.
End MapSpec.

(** ** Height and iteration *)

Section Iteration.
Context {K V : Type} `{OrdKey K}.
Implicit Types (t : tree K V) (st : list (tree K V)).

(** An AVL tree of height [2n] has at least [2^n - 1] entries. *)
Lemma avl_size (n : nat) t : avl t -> 2 * Z.of_nat n <= height t ->
  2 ^ Z.of_nat n <= lenZ (elements t) + 1.
Proof.
  revert t. induction n as [|n IH]; intros t Ha Hh; [simpl; lia|].
  destruct t as [|l k v r h]; [simpl in Hh; lia|]. destruct Ha as (Hl & Hr & -> & Hd).
  cbn [height elements] in *. rewrite length_app. simpl Datatypes.length.
  pose proof (IH l Hl ltac:(lia)). pose proof (IH r Hr ltac:(lia)).
  rewrite Nat2Z.inj_succ, Z.pow_succ_r by lia. lia.
Qed.

Lemma avl_height_bound t : avl t -> lenZ (elements t) <= usize_max -> height t <= ITERATOR_DEPTH.
Proof.
  intros Ha Hn. unfold ITERATOR_DEPTH. destruct (Z.le_gt_cases (height t) 64) as [|Hh]; [done|exfalso].
  destruct t as [|l k v r h]; [simpl in Hh; lia|]. destruct Ha as (Hl & Hr & -> & Hd).
  cbn [height elements] in *. rewrite length_app in Hn. simpl Datatypes.length in Hn.
  assert (2 ^ Z.of_nat 32 <= Z.max (lenZ (elements l)) (lenZ (elements r)) + 1).
  { destruct (Z.max_spec (height l) (height r)) as [[_ Hm]|[_ Hm]].
    - pose proof (avl_size 32 r Hr ltac:(lia)). lia.
    - pose proof (avl_size 32 l Hl ltac:(lia)). lia. }
  change (2 ^ Z.of_nat 32) with 4294967296 in *. unfold usize_max, u32_max in *. lia.
Qed.

(** Every node of the stack has room above it for its own height. *)
Fixpoint stack_ok st : Prop :=
  match st with
  | [] => True
  | n :: rest => n <> Leaf /\ avl n /\ lenZ rest + height n <= ITERATOR_DEPTH /\ stack_ok rest
  end.

(** What a stack has still to yield. *)
Fixpoint pending st : list (K * V) :=
  match st with
  | Node _ k v r _ :: rest => (k, v) :: elements r ++ pending rest
  | _ => []
  end.

Lemma push_left_spec t st : avl t -> stack_ok st -> lenZ st + height t <= ITERATOR_DEPTH ->
  exists st', push_left t st = Some st' /\ stack_ok st' /\ pending st' = elements t ++ pending st.
Proof.
  revert st. induction t as [|l IHl k v r _ h]; intros st Ha Hst Hd; [by exists st|].
  pose proof Ha as (Hl & Hr & -> & Hb). pose proof (height_nonneg l Hl).
  cbn [height push_left elements] in *. rewrite (proj2 (Z.ltb_lt _ _)) by lia.
  destruct (IHl (Node l k v r (1 + Z.max (height l) (height r)) :: st) Hl) as (st' & -> & Hok & Hp).
  - split_and!; [done|done|simpl; lia|done].
  - cbn [Datatypes.length]. lia.
  - exists st'. rewrite Hp. simpl. by rewrite <- app_assoc.
Qed.

Lemma next_spec st n kv rest : stack_ok st -> pending st = kv :: rest -> 0 < n ->
  exists st', next (mkIter st n) = Some (mkIter st' (n - 1), Some kv)
    /\ stack_ok st' /\ pending st' = rest.
Proof.
  intros Hst Hp Hn. unfold next. simpl. rewrite (proj2 (Z.eqb_neq _ _)) by lia.
  destruct st as [|[|l k v r h] st]; [done|done|]. simpl in Hp. simplify_eq.
  destruct Hst as (_ & (Hl & Hr & -> & Hb) & Hd & Hst). cbn [height] in Hd.
  destruct (push_left_spec r st Hr Hst) as (st' & -> & Hok & Hp); [lia|]. by exists st'.
Qed.

Lemma collect_spec n st : stack_ok st -> n = Datatypes.length (pending st) ->
  collect n (mkIter st (Z.of_nat n)) = Some (pending st).
Proof.
  revert st. induction n as [|n IH]; intros st Hst Hn;
    destruct (pending st) as [|kv es] eqn:He; try done.
  cbn [collect]. destruct (next_spec st (Z.of_nat (S n)) kv es) as (st' & -> & Hok & Hp); [done|done|lia|].
  cbn [mbind option_bind]. replace (Z.of_nat (S n) - 1) with (Z.of_nat n) by lia.
  rewrite (IH st'); [by rewrite Hp|done|]. rewrite Hp. simpl in Hn. lia.
Qed.

Definition from_key (start : K) (kv : K * V) : bool := bool_decide (cmp (fst kv) start <> Lt).
Definition until_key (end_ : K) (kv : K * V) : bool := bool_decide (cmp (fst kv) end_ = Lt).

Lemma push_from_spec start t st : avl t -> ksorted (elements t) -> stack_ok st ->
  lenZ st + height t <= ITERATOR_DEPTH ->
  exists st', push_from start t st = Some st' /\ stack_ok st'
    /\ pending st' = List.filter (from_key start) (elements t) ++ pending st.
Proof.
  revert st. induction t as [|l IHl k v r IHr h]; intros st Ha Hs Hst Hd; [by exists st|].
  pose proof Ha as (Hl & Hr & -> & Hb). pose proof (height_nonneg l Hl). pose proof (height_nonneg r Hr).
  cbn [height push_from elements] in *. apply ksorted_node in Hs as (Hsl & Hsr & Hlk & Hrk).
  rewrite List.filter_app. cbn [List.filter]. unfold from_key at 2. cbn [fst].
  destruct (decide (cmp k start = Lt)) as [Hlt|Hge].
  - rewrite (bool_decide_eq_false_2 (cmp k start <> Lt)) by auto.
    destruct (IHr st Hr Hsr Hst) as (st' & -> & Hok & Hp); [lia|].
    exists st'. split; [done|]. split; [done|]. rewrite Hp.
    assert (List.filter (from_key start) (elements l) = []) as ->; [|done].
    clear -Hlk Hlt. induction (elements l) as [|x es IH]; simpl; [done|].
    unfold from_key at 1. rewrite bool_decide_eq_false_2; [apply IH; auto with kandelo|].
    intros Hx. apply Hx. eapply cmp_trans; [apply Hlk; by left|done].
  - rewrite (bool_decide_eq_true_2 (cmp k start <> Lt)) by done.
    rewrite (proj2 (Z.ltb_lt _ _)) by lia.
    destruct (IHl (Node l k v r (1 + Z.max (height l) (height r)) :: st) Hl Hsl) as (st' & -> & Hok & Hp).
    + split_and!; [done|done|simpl; lia|done].
    + cbn [Datatypes.length]. lia.
    + exists st'. split; [done|]. split; [done|]. rewrite Hp. cbn [pending]. rewrite <- app_assoc.
      f_equal. simpl. do 2 f_equal. symmetry. apply filter_skip. intros x Hx.
      unfold from_key. apply bool_decide_eq_true_2. intros Hx'. apply Hge.
      eapply cmp_trans; [by apply Hrk|done].
Qed.

Lemma filter_until_nil end_ k (es : list (K * V)) : (forall x, In x es -> cmp k (fst x) = Lt) ->
  cmp k end_ <> Lt -> List.filter (until_key end_) es = [].
Proof.
  intros Hall Hge. induction es as [|x es IH]; simpl; [done|].
  unfold until_key at 1. rewrite bool_decide_eq_false_2; [apply IH; auto with kandelo|].
  intros Hx. apply Hge. eapply cmp_trans; [apply Hall; by left|done].
Qed.

Lemma range_collect_spec end_ n st : stack_ok st -> ksorted (pending st) ->
  (Datatypes.length (pending st) < n)%nat ->
  range_collect n end_ st = Some (List.filter (until_key end_) (pending st)).
Proof.
  revert st. induction n as [|n IH]; intros st Hst Hs Hn; [lia|].
  destruct st as [|[|l k v r h] st]; [done|by destruct Hst|]. cbn [pending] in *.
  destruct Hst as (_ & (Hl & Hr & -> & Hb) & Hd & Hst). cbn [height] in Hd.
  pose proof (height_nonneg l Hl). apply ksorted_cons in Hs as [Hs Hall].
  cbn [range_collect range_next List.filter]. unfold until_key at 1. cbn [fst].
  destruct (decide (cmp k end_ = Lt)) as [Hlt|Hge].
  - rewrite (bool_decide_eq_false_2 (cmp k end_ <> Lt)), (bool_decide_eq_true_2 (cmp k end_ = Lt)) by auto.
    destruct (push_left_spec r st Hr Hst) as (st' & -> & Hok & Hp); [lia|].
    cbn [mbind option_bind]. rewrite <- Hp in *. rewrite (IH st'); [done..|].
    simpl in Hn. lia.
  - rewrite (bool_decide_eq_true_2 (cmp k end_ <> Lt)), (bool_decide_eq_false_2 (cmp k end_ = Lt)) by auto.
    cbn [mbind option_bind]. f_equal. symmetry. by apply (filter_until_nil end_ k).
Qed.
End Iteration.

(** ** Ordered queries *)

Section Ordered.
Context {K V : Type} `{OrdKey K}.
Implicit Types (t : tree K V) (k : K).

Definition at_most (k : K) (kv : K * V) : bool := bool_decide (cmp k (fst kv) <> Lt).
Definition above (k : K) (kv : K * V) : bool := bool_decide (cmp k (fst kv) = Lt).

Lemma ksorted_filter p (es : list (K * V)) : ksorted es -> ksorted (List.filter p es).
Proof.
  induction es as [|x es IH]; simpl; [done|]. intros [Hes Hall]%ksorted_cons.
  destruct (p x); [|auto]. apply ksorted_cons. split; [auto|]. intros y [Hy _]%filter_In. auto.
Qed.

Lemma tree_at_or_before_spec t k acc : ksorted (elements t) ->
  tree_at_or_before t k acc
  = match last (List.filter (at_most k) (elements t)) with Some x => Some x | None => acc end.
Proof.
  revert acc. induction t as [|l IHl nk nv r IHr h]; intros acc Hs; [done|].
  cbn [elements tree_at_or_before] in *. apply ksorted_node in Hs as (Hsl & Hsr & Hlk & Hrk).
  rewrite List.filter_app. cbn [List.filter]. unfold at_most at 2. cbn [fst].
  destruct (cmp k nk) eqn:E.
  - rewrite bool_decide_eq_true_2 by done. rewrite (filter_none _ (elements r)), last_snoc; [done|].
    intros x Hx. apply bool_decide_eq_false_2. apply cmp_eq in E as ->. rewrite Hrk by done. auto.
  - rewrite bool_decide_eq_false_2 by auto. rewrite (filter_none _ (elements r)), app_nil_r; [auto|].
    intros x Hx. apply bool_decide_eq_false_2. rewrite (cmp_trans k nk (fst x)); auto.
  - rewrite bool_decide_eq_true_2 by done. rewrite IHr by done.
    rewrite last_app_cons, last_cons. by destruct (last (List.filter (at_most k) (elements r))).
Qed.

Lemma tree_next_after_spec t k acc : ksorted (elements t) ->
  tree_next_after t k acc
  = match head (List.filter (above k) (elements t)) with Some x => Some x | None => acc end.
Proof.
  revert acc. induction t as [|l IHl nk nv r IHr h]; intros acc Hs; [done|].
  cbn [elements tree_next_after] in *. apply ksorted_node in Hs as (Hsl & Hsr & Hlk & Hrk).
  rewrite List.filter_app. cbn [List.filter]. unfold above at 2. cbn [fst].
  assert (cmp k nk <> Lt -> List.filter (above k) (elements l) = []) as Hl.
  { intros Hge. apply filter_none. intros x Hx. apply bool_decide_eq_false_2. intros Hkx.
    apply Hge. eapply cmp_trans; eauto. }
  destruct (cmp k nk) eqn:E.
  - rewrite bool_decide_eq_false_2, Hl by done. simpl. auto.
  - rewrite bool_decide_eq_true_2 by done. rewrite IHl by done.
    by destruct (List.filter (above k) (elements l)).
  - rewrite bool_decide_eq_false_2, Hl by done. simpl. auto.
Qed.

Lemma tree_last_spec t : tree_last t = last (elements t).
Proof.
  induction t as [|l _ k v r IHr h]; [done|]. cbn [elements]. rewrite last_app_cons.
  destruct r as [|rl rk rv rr rh] eqn:Er; [done|]. rewrite <- Er in *.
  assert (tree_last (Node l k v r h) = tree_last r) as -> by (by rewrite Er).
  rewrite IHr, last_cons. destruct (last (elements r)) eqn:El; [done|].
  apply last_None in El. rewrite Er in El. simpl in El. by destruct (elements rl).
Qed.
End Ordered.

(** ** Map operations *)

Section Operations.
Context {K V : Type} `{OrdKey K} `{Countable K}.
Implicit Types (m : PreparedMap K V) (k : K) (v : V).

Lemma insert_prepared_spec m k v : map_ok m ->
  exists m' prior, insert_prepared m k v = Some (m', prior) /\ map_ok m'
    /\ to_gmap m' = <[k := v]> (to_gmap m) /\ snd <$> prior = to_gmap m !! k.
Proof.
  intros [Ha Hs Hl]. unfold insert_prepared.
  destruct (insert_spec (root m) k v Ha Hs) as (t' & -> & Ha' & He & _). simpl.
  eexists _, _. split; [done|]. split; [split; simpl|split].
  - done.
  - rewrite He. by apply list_insert_sorted.
  - rewrite He, list_insert_length, Hl by done. by repeat case_bool_decide.
  - apply map_eq. intros k'. unfold to_gmap. simpl. rewrite He, list_to_map_entry, list_entry_insert.
    case_decide; [by subst; rewrite lookup_insert_eq|].
    by rewrite lookup_insert_ne, list_to_map_entry.
  - unfold to_gmap. by rewrite list_to_map_entry.
Qed.

Lemma remove_entry_spec m k : map_ok m ->
  exists m' removed, remove_entry m k = Some (m', removed) /\ map_ok m'
    /\ to_gmap m' = delete k (to_gmap m) /\ snd <$> removed = to_gmap m !! k.
Proof.
  intros [Ha Hs Hl]. unfold remove_entry.
  destruct (remove_spec (root m) k Ha Hs) as (t' & -> & Ha' & He & _). simpl.
  eexists _, _. split; [done|]. split; [split; simpl|split].
  - done.
  - rewrite He. by apply list_remove_sorted.
  - rewrite He, list_remove_length, Hl by done. by repeat case_bool_decide.
  - apply map_eq. intros k'. unfold to_gmap. simpl. rewrite He, list_to_map_entry, list_entry_remove.
    case_decide; [by subst; rewrite lookup_delete_eq|].
    by rewrite lookup_delete_ne, list_to_map_entry.
  - unfold to_gmap. by rewrite list_to_map_entry.
Qed.

Lemma list_retain_sorted (keep : K -> V -> option V) es : ksorted es -> ksorted (list_retain keep es).
Proof.
  unfold list_retain. induction es as [|[a b] es IH]; simpl; [done|]. intros [Hes Hall]%ksorted_cons.
  destruct (keep a b); simpl; [|auto]. apply ksorted_cons. split; [auto|]. intros [a' b'] Hin.
  apply list_elem_of_In, list_elem_of_omap in Hin as ([a2 b2] & Hin%list_elem_of_In & Hk). simpl in Hk.
  destruct (keep a2 b2); simplify_eq/=. by apply (Hall (a', b2)).
Qed.

Lemma list_retain_cons (keep : K -> V -> option V) a b es : list_retain keep ((a, b) :: es)
  = match keep a b with Some b' => (a, b') :: list_retain keep es | None => list_retain keep es end.
Proof. unfold list_retain. simpl. by destruct (keep a b). Qed.

Lemma list_entry_cons k a b (es : list (K * V)) :
  list_entry k ((a, b) :: es) = if bool_decide (k = a) then Some (a, b) else list_entry k es.
Proof. unfold list_entry. simpl. by rewrite cmp_decide. Qed.

Lemma list_entry_retain (keep : K -> V -> option V) es k : ksorted es ->
  snd <$> list_entry k (list_retain keep es) = (v ← snd <$> list_entry k es; keep k v).
Proof.
  induction es as [|[a b] es IH]; [done|]. intros [Hes Hall]%ksorted_cons. specialize (IH Hes).
  rewrite list_retain_cons, list_entry_cons. case_bool_decide as Hk.
  - subst a. simpl. destruct (keep k b) as [v'|].
    { by rewrite list_entry_cons, bool_decide_eq_true_2. }
    rewrite IH. unfold list_entry. rewrite find_absent; [done|]. intros x Hx%Hall.
    apply bool_decide_eq_false_2. unfold klt in Hx. simpl in Hx. congruence.
  - destruct (keep a b); [|done]. by rewrite list_entry_cons, bool_decide_eq_false_2.
Qed.

Lemma retain_spec keep m : map_ok m ->
  exists m', retain keep m = Some m' /\ map_ok m'
    /\ forall k, to_gmap m' !! k = (v ← to_gmap m !! k; keep k v).
Proof.
  intros [Ha Hs Hl]. unfold retain. destruct (tree_retain_spec keep (root m) Ha) as (t' & -> & Ha' & He).
  simpl. eexists. split; [done|]. split; [split; simpl|].
  - done.
  - rewrite He. by apply list_retain_sorted.
  - rewrite He, Hl. lia.
  - intros k. unfold to_gmap. simpl. rewrite He, !list_to_map_entry. by apply list_entry_retain.
Qed.

Lemma get_mut_elements (t : tree K V) k f : ksorted (elements t) ->
  elements (tree_get_mut t k f)
  = map (fun kv => if bool_decide (k = fst kv) then (fst kv, f (snd kv)) else kv) (elements t).
Proof.
  set (g := fun kv => _).
  assert (forall es, (forall x, In x es -> k <> fst x) -> map g es = es) as Hg.
  { induction es as [|x es IH]; simpl; [done|]. intros Hx. unfold g at 1.
    rewrite bool_decide_eq_false_2 by auto. f_equal. auto. }
  induction t as [|l IHl nk nv r IHr h]; [done|]. cbn [elements tree_get_mut].
  intros (Hsl & Hsr & Hlk & Hrk)%ksorted_node. rewrite map_app. cbn [map].
  assert (cmp k nk <> Lt -> map g (elements l) = elements l) as Hgl.
  { intros Hk. apply Hg. intros x Hx Hkx. apply Hk. rewrite Hkx. by apply Hlk. }
  assert (cmp k nk <> Gt -> map g (elements r) = elements r) as Hgr.
  { intros Hk. apply Hg. intros x Hx Hkx. apply Hk. rewrite Hkx. by apply cmp_flip, Hrk. }
  assert (cmp k nk <> Eq -> g (nk, nv) = (nk, nv)) as Hgn.
  { intros Hk. unfold g. simpl. rewrite bool_decide_eq_false_2; [done|]. by rewrite <- cmp_eq. }
  destruct (cmp k nk) eqn:E; cbn [elements].
  - apply cmp_eq in E as ->. rewrite Hgl, Hgr by done. unfold g. simpl.
    by rewrite bool_decide_eq_true_2.
  - by rewrite IHl, Hgr, Hgn by done.
  - by rewrite IHr, Hgl, Hgn by done.
Qed.
End Operations.

(** ** Theorems *)

Section Theorems.
Context {K V : Type} `{OrdKey K} `{Countable K}.
Implicit Types (m : PreparedMap K V) (k : K) (v : V).

Lemma get_mut_spec m k f : map_ok m ->
  map_ok (get_mut m k f) /\ to_gmap (get_mut m k f) = alter f k (to_gmap m).
Proof.
  intros [Ha Hs Hl]. pose proof (get_mut_elements (root m) k f Hs) as He.
  set (g := fun kv => _) in He. assert (forall kv, fst (g kv) = fst kv) as Hg.
  { intros [a b]. unfold g. simpl. by case_bool_decide. }
  split; [split; simpl|].
  - clear -Ha. induction (root m) as [|l IHl nk nv r IHr h]; [done|].
    destruct Ha as (Hl & Hr & -> & Hd).
    assert (forall t : tree K V, height (tree_get_mut t k f) = height t) as Hh.
    { intros [|? ? ? ? ?]; simpl; [done|]. by destruct (cmp k key). }
    simpl. destruct (cmp k nk); simpl; rewrite ?Hh; auto.
  - rewrite He. clear -Hs Hg. induction (elements (root m)) as [|x es IH]; simpl; [done|].
    apply ksorted_cons in Hs as [Hs Hall]. apply ksorted_cons. split; [auto|].
    intros y (z & <- & Hz)%in_map_iff. unfold klt. rewrite !Hg. by apply Hall.
  - by rewrite He, length_map.
  - apply map_eq. intros k'. unfold to_gmap. simpl. rewrite He. clear -Hg.
    induction (elements (root m)) as [|[a b] es IH]; simpl; [by rewrite lookup_alter, !lookup_empty; case_decide|].
    unfold g at 1 2. simpl. rewrite lookup_alter in *.
    destruct (decide (a = k')) as [->|Hne]; case_bool_decide; case_decide; subst; simplify_map_eq; done.
Qed.

(** C2. Refinement. On a well-formed map, lookup, in-place update, insertion,
    removal and [retain] are the operations of the finite map it stands for:
    none panics, every one keeps the tree a balanced search tree with the
    exact length, and the displaced or removed value is the one stored. *)
Theorem prepared_map_refines_gmap m : map_ok m ->
  (forall k, get m k = to_gmap m !! k)
  /\ (forall k f, map_ok (get_mut m k f) /\ to_gmap (get_mut m k f) = alter f k (to_gmap m))
  /\ (forall k v, exists m' prior, insert_prepared m k v = Some (m', prior) /\ map_ok m'
        /\ to_gmap m' = <[k := v]> (to_gmap m) /\ snd <$> prior = to_gmap m !! k)
  /\ (forall k, exists m' removed, remove_entry m k = Some (m', removed) /\ map_ok m'
        /\ to_gmap m' = delete k (to_gmap m) /\ snd <$> removed = to_gmap m !! k)
  /\ (forall keep, exists m', retain keep m = Some m' /\ map_ok m'
        /\ forall k, to_gmap m' !! k = (v ← to_gmap m !! k; keep k v)).
Proof.
  intros Hm. split_and!; intros; auto using get_to_gmap, insert_prepared_spec, remove_entry_spec,
    retain_spec; apply get_mut_spec; done.
Qed.

(** Iteration. A map of at most [usize::MAX] entries has a tree no higher
    than the iterators' fixed stack, so neither iterator panics: [iter]
    yields every entry once in increasing key order, and [range] yields
    exactly the entries with [start <= key < end], in order. *)
Theorem prepared_map_iteration m start end_ : map_ok m -> length m <= usize_max ->
  (exists it, iter m = Some it /\ collect (Z.to_nat (length m)) it = Some (elements (root m)))
  /\ ksorted (elements (root m))
  /\ exists st, range m start = Some st
       /\ range_collect (S (Z.to_nat (length m))) end_ st
          = Some (List.filter (until_key end_)
                   (List.filter (from_key start) (elements (root m)))).
Proof.
  intros [Ha Hs Hl] Hn. rewrite Hl in Hn. pose proof (avl_height_bound _ Ha Hn) as Hh.
  split; [|split; [done|]].
  - unfold iter. destruct (push_left_spec (root m) [] Ha I) as (st & -> & Hok & Hp); [simpl; lia|].
    eexists. split; [done|]. rewrite app_nil_r in Hp. rewrite Hl, <- Hp, Nat2Z.id.
    by apply collect_spec.
  - unfold range. destruct (push_from_spec start (root m) [] Ha Hs I) as (st & -> & Hok & Hp); [simpl; lia|].
    exists st. split; [done|]. rewrite app_nil_r in Hp. rewrite <- Hp.
    apply range_collect_spec; [done| |].
    + rewrite Hp. by apply ksorted_filter.
    + rewrite Hp, Hl, Nat2Z.id. pose proof (filter_length_le (from_key start) (elements (root m))). lia.
Qed.

(** Ordered queries. [at_or_before] is the last entry with a key at most
    the one asked for, [next_after] the first with a greater key,
    [last_key_value] the last of all and [pop_first] removes the first. *)
Theorem prepared_map_ordered_queries m k : map_ok m ->
  at_or_before m k = last (List.filter (at_most k) (elements (root m)))
  /\ next_after m k = head (List.filter (above k) (elements (root m)))
  /\ last_key_value m = last (elements (root m))
  /\ exists m' first, pop_first m = Some (m', first) /\ map_ok m'
       /\ elements (root m) = option_list first ++ elements (root m').
Proof.
  intros Hm. pose proof Hm as [Ha Hs Hl]. split_and!.
  - unfold at_or_before. rewrite tree_at_or_before_spec by done. by destruct (last _).
  - unfold next_after. rewrite tree_next_after_spec by done. by destruct (head _).
  - apply tree_last_spec.
  - unfold pop_first. destruct (root m) as [|l nk nv r h] eqn:Er; rewrite <- ?Er in *.
    { exists m, None. split; [done|]. split; [done|]. by rewrite Er. }
    destruct (take_min_spec (root m) Ha) as (t' & kv & -> & Ha' & He & _); [by rewrite Er|].
    eexists _, (Some kv). split; [done|]. simpl. rewrite He in Hs, Hl. split; [|done].
    apply ksorted_cons in Hs as [Hs _]. split; simpl in *; [done|done|lia].
Qed.

(** Prepared publication. A key that [prepare_io] admitted is published
    without a panic as long as it was not inserted in between, and
    [try_insert_io] either stores the value and returns the previous one, or
    fails with ENOMEM on a map it leaves alone. *)
Theorem prepared_map_publication m admitted k v : map_ok m ->
  (forall kv m0, prepare_io m0 admitted k v = Ok kv -> get m k = None ->
     exists m', publish_io m kv = Some m' /\ map_ok m' /\ to_gmap m' = <[k := v]> (to_gmap m))
  /\ exists m' r, try_insert_io m admitted k v = Some (m', r) /\ map_ok m'
       /\ match r with
          | Ok prev => prev = to_gmap m !! k /\ to_gmap m' = <[k := v]> (to_gmap m)
          | Err e => e = ENOMEM /\ m' = m
          end.
Proof.
  intros Hm.
  assert (get m k = None -> exists m', publish_io m (k, v) = Some m' /\ map_ok m'
    /\ to_gmap m' = <[k := v]> (to_gmap m)) as Hpub.
  { intros Hk. unfold publish_io, contains_key. simpl. rewrite Hk, bool_decide_eq_false_2 by apply is_Some_None.
    destruct (insert_prepared_spec m k v Hm) as (m' & prior & -> & Hok & Hg & _). simpl. eauto. }
  split.
  - intros kv m0 Hp Hk. unfold prepare_io in Hp. repeat case_match; simplify_eq. auto.
  - unfold try_insert_io, prepare_io, contains_key.
    destruct (get m k) as [old|] eqn:Hk.
    + destruct (get_mut_spec m k (fun _ => v) Hm) as [Hok Hg]. eexists _, _. split; [done|]. split; [done|].
      rewrite Hg. rewrite get_to_gmap in Hk by done. split; [done|]. apply map_eq. intros k'.
      rewrite lookup_alter, lookup_insert. case_decide; [|done]. subst. by rewrite Hk.
    + rewrite bool_decide_eq_false_2 by apply is_Some_None. destruct admitted; [|by eexists _, _].
      destruct (Hpub eq_refl) as (m' & -> & Hok & Hg). eexists _, _. split; [done|]. split; [done|].
      by rewrite <- get_to_gmap.
Qed.
End Theorems.

(** Fifteen insertions in increasing order, which rotate at every level. *)
Definition witness_map : PreparedMap Z Z :=
  fold_left (fun m k => match insert_prepared m k (k * k) with Some (m', _) => m' | None => m end)
    (seqZ 0 15) new.

Lemma witness_map_ok : map_ok witness_map.
Proof. split; [vm_compute; repeat split; discriminate|repeat constructor|reflexivity]. Qed.

Lemma prepared_map_refines_gmap_witness :
  exists m' removed, remove_entry witness_map 7 = Some (m', removed) /\ map_ok m'
    /\ to_gmap m' = delete 7 (to_gmap witness_map) /\ snd <$> removed = to_gmap witness_map !! 7.
Proof. apply (prepared_map_refines_gmap witness_map witness_map_ok). Defined.

Lemma prepared_map_iteration_witness :
  (exists it, iter witness_map = Some it /\ collect 15 it = Some (elements (root witness_map))).
Proof.
  apply (prepared_map_iteration witness_map 3 9 witness_map_ok). vm_compute. discriminate.
Defined.

Lemma prepared_map_ordered_queries_witness :
  at_or_before witness_map 6 = last (List.filter (at_most 6) (elements (root witness_map))).
Proof. apply (prepared_map_ordered_queries witness_map 6 witness_map_ok). Defined.

Lemma prepared_map_publication_witness :
  exists m' r, try_insert_io witness_map true 99 5 = Some (m', r) /\ map_ok m'
    /\ match r with
       | Ok prev => prev = to_gmap witness_map !! 99 /\ to_gmap m' = <[99 := 5]> (to_gmap witness_map)
       | Err e => e = ENOMEM /\ m' = witness_map
       end.
Proof. apply (prepared_map_publication witness_map true 99 5 witness_map_ok). Defined.
