(* ===== verification/Lock.v ===== *)
(** * Advisory file locks (crates/runtime-core/src/lock.rs)

    [AdvisoryLockManager] keeps every lock record of the machine in one vector
    sorted by file, range, owner and type. The file models the ranges and
    their normalisation, the record order, the blocking query, the atomic set
    and unlock operation with its splitting and coalescing, and the removals
    on close, exit and descriptor death.

    The specification is a byte map: which owner holds which lock type on
    which byte of which file. [set_lock] implements the pointwise update of
    that map, keeps the record vector canonical, and no reachable state gives
    two owners of one namespace conflicting locks on a byte. *)

From S2P Require Import Prelude.

(** ** Data *)

(** [MAX_ADVISORY_LOCK_RECORDS]. *)
Definition MAX_ADVISORY_LOCK_RECORDS : Z := 4096.

Inductive KernelFileKind : Type := MemFd | SyntheticRegular | ProcFsRegular.

Inductive FileId : Type :=
  | Host (dev ino : Z)
  | Kernel (kind : KernelFileKind) (object_id : Z).

(** [OfdId(u64)] is the [Z] it wraps. *)
Inductive LockOwner : Type :=
  | Process (pid : Z)
  | OpenFileDescription (id : Z)
  | Flock (id : Z).

Inductive AdvisoryLockType : Type := Read | Write.

Inductive LockRangeEnd : Type := Offset (end_ : Z) | Eof.

Record LockRange : Type := mkLockRange { start : Z; end_ : LockRangeEnd }.

Record LockRecord : Type := mkLockRecord {
  file : FileId;
  owner : LockOwner;
  lock_type : AdvisoryLockType;
  range : LockRange;
}.

Record LockMutation : Type := mkLockMutation { changed : bool; may_unblock : bool }.

(** The records and the capacity of the vector that holds them. *)
Record AdvisoryLockManager : Type := mkManager {
  records : list LockRecord;
  capacity : Z;
}.

#[global] Instance KernelFileKind_eq_dec : EqDecision KernelFileKind.
Proof. solve_decision. Defined.
#[global] Instance FileId_eq_dec : EqDecision FileId.
Proof. solve_decision. Defined.
#[global] Instance LockOwner_eq_dec : EqDecision LockOwner.
Proof. solve_decision. Defined.
#[global] Instance AdvisoryLockType_eq_dec : EqDecision AdvisoryLockType.
Proof. solve_decision. Defined.
#[global] Instance LockRangeEnd_eq_dec : EqDecision LockRangeEnd.
Proof. solve_decision. Defined.
#[global] Instance LockRange_eq_dec : EqDecision LockRange.
Proof. solve_decision. Defined.
#[global] Instance LockRecord_eq_dec : EqDecision LockRecord.
Proof. solve_decision. Defined.

(** [LockMutation::default()]. *)
Definition no_mutation : LockMutation := mkLockMutation false false.

(** ** The derived orders

    [#[derive(PartialOrd, Ord)]] compares the discriminant and then the
    fields in order: the lexicographic order of the keys below. *)
Fixpoint lex_compare (k1 k2 : list Z) : comparison :=
  match k1, k2 with
  | [], [] => Eq
  | [], _ :: _ => Lt
  | _ :: _, [] => Gt
  | x :: k1', y :: k2' =>
      match Z.compare x y with Eq => lex_compare k1' k2' | c => c end
  end.

Definition kind_key (k : KernelFileKind) : Z :=
  match k with MemFd => 0 | SyntheticRegular => 1 | ProcFsRegular => 2 end.
Definition file_key (f : FileId) : list Z :=
  match f with
  | Host dev ino => [0; dev; ino]
  | Kernel k id => [1; kind_key k; id]
  end.
Definition owner_key (o : LockOwner) : list Z :=
  match o with
  | Process p => [0; p]
  | OpenFileDescription i => [1; i]
  | Flock i => [2; i]
  end.
Definition type_key (t : AdvisoryLockType) : list Z :=
  match t with Read => [0] | Write => [1] end.
Definition end_key (e : LockRangeEnd) : list Z :=
  match e with Offset z => [0; z] | Eof => [1; 0] end.
Definition range_key (r : LockRange) : list Z := start r :: end_key (end_ r).

(** [Ordering::then_with]. *)
Definition then_with (c1 c2 : comparison) : comparison :=
  match c1 with Eq => c2 | c => c end.

(** [record_cmp]. *)
Definition record_cmp (left right : LockRecord) : comparison :=
  then_with (lex_compare (file_key (file left)) (file_key (file right)))
 (then_with (lex_compare (range_key (range left)) (range_key (range right)))
 (then_with (lex_compare (owner_key (owner left)) (owner_key (owner right)))
            (lex_compare (type_key (lock_type left)) (type_key (lock_type right))))).

Definition file_lt (f g : FileId) : bool :=
  match lex_compare (file_key f) (file_key g) with Lt => true | _ => false end.
Definition end_lt (e1 e2 : LockRangeEnd) : bool :=
  match lex_compare (end_key e1) (end_key e2) with Lt => true | _ => false end.
Definition end_max (e1 e2 : LockRangeEnd) : LockRangeEnd :=
  match lex_compare (end_key e1) (end_key e2) with Gt => e1 | _ => e2 end.

(** ** Ranges *)

Definition is_flock (o : LockOwner) : bool :=
  match o with Flock _ => true | _ => false end.

(** [LockOwner::conflicts_in_namespace]. *)
Definition conflicts_in_namespace (self other : LockOwner) : bool :=
  Bool.eqb (is_flock self) (is_flock other).

(** [LockRange::normalize]. *)
Definition normalize (start len : Z) : result LockRange :=
  if start <? 0 then Err EINVAL
  else if len =? 0 then Ok (mkLockRange start Eof)
  else if 0 <? len then
    let? e := ok_or (checked_add_i64 start len) EOVERFLOW in
    Ok (mkLockRange start (Offset e))
  else
    let? normalized_start := ok_or (checked_add_i64 start len) EOVERFLOW in
    if normalized_start <? 0 then Err EINVAL
    else Ok (mkLockRange normalized_start (Offset start)).

Definition end_after (self : LockRange) (start : Z) : bool :=
  match end_ self with Offset e => start <? e | Eof => true end.

Definition start_before_end (start : Z) (e : LockRangeEnd) : bool :=
  match e with Offset e => start <? e | Eof => true end.

Definition overlaps (self other : LockRange) : bool :=
  end_after self (start other) && start_before_end (start self) (end_ other).

Definition touches_or_overlaps (self other : LockRange) : bool :=
  match end_ other with Offset e => start self <=? e | Eof => true end
  && match end_ self with Offset e => start other <=? e | Eof => true end.

Definition union (self other : LockRange) : LockRange :=
  mkLockRange (Z.min (start self) (start other)) (end_max (end_ self) (end_ other)).

(** [LockRange::len]. *)
Definition range_len (self : LockRange) : Z :=
  match end_ self with Offset e => e - start self | Eof => 0 end.

(** ** Queries *)

Definition new : AdvisoryLockManager := mkManager [] 0.

Definition file_bounds (m : AdvisoryLockManager) (f : FileId) : nat * nat :=
  let s := partition_point (fun r => file_lt (file r) f) (records m) in
  let e := (partition_point (fun r => bool_decide (file r = f)) (drop s (records m)) + s)%nat in
  (s, e).

(** [self.records[start..end]]. *)
Definition slice {A} (s e : nat) (l : list A) : list A := take (e - s) (drop s l).

Definition file_slice (m : AdvisoryLockManager) (f : FileId) : list LockRecord :=
  let '(s, e) := file_bounds m f in slice s e (records m).

(** The blocking condition of [get_blocking_lock] and of [set_lock]. *)
Definition blocks (o : LockOwner) (t : AdvisoryLockType) (rg : LockRange)
    (r : LockRecord) : bool :=
  bool_decide (owner r <> o)
  && conflicts_in_namespace (owner r) o
  && overlaps (range r) rg
  && (bool_decide (lock_type r = Write) || bool_decide (t = Write)).

Definition get_blocking_lock (m : AdvisoryLockManager) (f : FileId) (o : LockOwner)
    (t : AdvisoryLockType) (rg : LockRange) : option LockRecord :=
  List.find (blocks o t rg) (file_slice m f).

Definition flock_type (m : AdvisoryLockManager) (f : FileId) (ofd_id : Z)
    : option AdvisoryLockType :=
  option_map lock_type
    (List.find (fun r => bool_decide (owner r = Flock ofd_id)) (file_slice m f)).

(** ** Set and unlock *)

(** The locals that the first loop of [set_lock] accumulates. *)
Record Scan : Type := mkScan {
  left_fragment : option LockRecord;
  right_fragment : option LockRecord;
  merged_request : LockRange;
  type_changed : bool;
}.

(** [LockRecord { range, ..record }]. *)
Definition with_range (r : LockRecord) (rg : LockRange) : LockRecord :=
  mkLockRecord (file r) (owner r) (lock_type r) rg.

(** The left part of an overlapped record: merged when its type is the
    requested one, kept as a fragment otherwise. *)
Definition scan_left (lt : option AdvisoryLockType) (requested : LockRange)
    (r : LockRecord) (acc : Scan) : Scan :=
  if start (range r) <? start requested then
    let fragment :=
      with_range r (mkLockRange (start (range r)) (Offset (start requested))) in
    if bool_decide (lt = Some (lock_type r))
    then mkScan (left_fragment acc) (right_fragment acc)
           (union (merged_request acc) (range fragment)) (type_changed acc)
    else mkScan (Some fragment) (right_fragment acc) (merged_request acc) (type_changed acc)
  else acc.

(** The right part; [requested.end < record.range.end] excludes an EOF
    request, so the [Eof] case is the source's [unreachable!]. *)
Definition scan_right (lt : option AdvisoryLockType) (requested : LockRange)
    (r : LockRecord) (acc : Scan) : Scan :=
  if end_lt (end_ requested) (end_ (range r)) then
    match end_ requested with
    | Offset right_start =>
        let fragment := with_range r (mkLockRange right_start (end_ (range r))) in
        if bool_decide (lt = Some (lock_type r))
        then mkScan (left_fragment acc) (right_fragment acc)
               (union (merged_request acc) (range fragment)) (type_changed acc)
        else mkScan (left_fragment acc) (Some fragment) (merged_request acc) (type_changed acc)
    | Eof => acc
    end
  else acc.

Definition scan_type (lt : option AdvisoryLockType) (r : LockRecord) (acc : Scan) : Scan :=
  match lt with
  | Some t => mkScan (left_fragment acc) (right_fragment acc) (merged_request acc)
                (type_changed acc || bool_decide (lock_type r <> t))
  | None => acc
  end.

Definition scan_record (o : LockOwner) (lt : option AdvisoryLockType)
    (requested : LockRange) (acc : Scan) (r : LockRecord) : Scan :=
  if bool_decide (owner r <> o) || negb (overlaps (range r) requested) then acc
  else scan_type lt r (scan_right lt requested r (scan_left lt requested r acc)).

Definition scan (o : LockOwner) (lt : option AdvisoryLockType) (requested : LockRange)
    (rs : list LockRecord) : Scan :=
  fold_left (scan_record o lt requested) rs (mkScan None None requested false).

(** One pass of the coalescing loop, and the loop itself. *)
Definition coalesce_record (o : LockOwner) (t : AdvisoryLockType) (m : LockRange)
    (r : LockRecord) : LockRange :=
  if bool_decide (owner r = o) && bool_decide (lock_type r = t)
     && touches_or_overlaps (range r) m
  then union m (range r) else m.

Definition coalesce_pass (o : LockOwner) (t : AdvisoryLockType)
    (rs : list LockRecord) (m : LockRange) : LockRange :=
  fold_left (coalesce_record o t) rs m.

Fixpoint coalesce_loop (fuel : nat) (o : LockOwner) (t : AdvisoryLockType)
    (rs : list LockRecord) (m : LockRange) : LockRange :=
  match fuel with
  | O => m
  | S fuel' =>
      let m' := coalesce_pass o t rs m in
      if bool_decide (m' = m) then m' else coalesce_loop fuel' o t rs m'
  end.

(** Every pass that changes the request absorbs one more record, so one pass
    more than there are records reaches the fixed point
    ([coalesce_loop_fixpoint]). *)
Definition coalesce (o : LockOwner) (lt : option AdvisoryLockType)
    (rs : list LockRecord) (m : LockRange) : LockRange :=
  match lt with
  | Some t => coalesce_loop (S (length rs)) o t rs m
  | None => m
  end.

(** The closure [should_remove]. *)
Definition should_remove (o : LockOwner) (lt : option AdvisoryLockType)
    (requested merged : LockRange) (r : LockRecord) : bool :=
  if bool_decide (owner r <> o) then false
  else if overlaps (range r) requested then true
  else match lt with
       | Some t => bool_decide (lock_type r = t) && touches_or_overlaps (range r) merged
       | None => false
       end.

(** [insert_record]: the index [binary_search_by] yields is the number of
    records below [r]. *)
Definition record_lt (r1 r2 : LockRecord) : bool :=
  match record_cmp r1 r2 with Lt => true | _ => false end.
Definition insert_record (r : LockRecord) (rs : list LockRecord) : list LockRecord :=
  insert_at (partition_point (fun x => record_lt x r) rs) r rs.
Definition insert_opt (r : option LockRecord) (rs : list LockRecord) : list LockRecord :=
  match r with Some r => insert_record r rs | None => rs end.

(** The in-place compaction of the file's slice: [read] walks the slice,
    [write] follows, the tail is drained. *)
Definition compact_step (dropped : LockRecord -> bool)
    (st : list LockRecord * nat) (read : nat) : list LockRecord * nat :=
  let '(rs, write) := st in
  match rs !! read with
  | None => st
  | Some r =>
      if dropped r then st
      else (if bool_decide (write <> read) then <[write:=r]> rs else rs, S write)
  end.
Definition compact_slice (dropped : LockRecord -> bool) (s e : nat)
    (rs : list LockRecord) : list LockRecord * nat :=
  let '(rs', write) := fold_left (compact_step dropped) (seq s (e - s)) (rs, s) in
  (if bool_decide (write <> e) then take write rs' ++ drop e rs' else rs', write).

(** [while target < required { target = target.saturating_mul(2).min(MAX) }]:
    a round adds at least one, so [required] rounds are enough. *)
Fixpoint grow_target (fuel : nat) (target required : Z) : Z :=
  match fuel with
  | O => target
  | S fuel' =>
      if target <? required
      then grow_target fuel' (Z.min (Z.min u32_max (target * 2)) MAX_ADVISORY_LOCK_RECORDS) required
      else target
  end.

Definition opt_count {A} (o : option A) : Z := match o with Some _ => 1 | None => 0 end.

Section Operations.
(** [Vec::try_reserve_exact] of the allocator: the capacity after a
    successful reservation of [additional] slots, [None] when it fails. *)
Variable try_reserve_exact : forall (len capacity additional : Z), option Z.

Definition ensure_capacity (m : AdvisoryLockManager) (required : Z)
    : AdvisoryLockManager * result unit :=
  if required <=? capacity m then (m, Ok tt)
  else if MAX_ADVISORY_LOCK_RECORDS <? required then (m, Err ENOLCK)
  else
    let target := grow_target (Z.to_nat required) (Z.max (capacity m) 4) required in
    match try_reserve_exact (lenZ (records m)) (capacity m) (target - lenZ (records m)) with
    | Some c => (mkManager (records m) c, Ok tt)
    | None => (m, Err ENOLCK)
    end.

(** [set_lock]; [None] is unlock. *)
Definition set_lock (m : AdvisoryLockManager) (f : FileId) (o : LockOwner)
    (lt : option AdvisoryLockType) (requested : LockRange)
    : AdvisoryLockManager * result LockMutation :=
  let '(file_start, file_end) := file_bounds m f in
  let rs := slice file_start file_end (records m) in
  if match lt with Some t => existsb (blocks o t requested) rs | None => false end
  then (m, Err EAGAIN)
  else
    let sc := scan o lt requested rs in
    let merged := coalesce o lt rs (merged_request sc) in
    let remove := should_remove o lt requested merged in
    let removed_count := lenZ (List.filter remove rs) in
    let piece_count :=
      opt_count (left_fragment sc) + opt_count lt + opt_count (right_fragment sc) in
    if (removed_count =? 0) && bool_decide (lt = None) then (m, Ok no_mutation)
    else
      let replacement := option_map (fun t => mkLockRecord f o t merged) lt in
      if (removed_count =? 1) && (piece_count =? 1)
         && bool_decide (left_fragment sc = None) && bool_decide (right_fragment sc = None)
         && bool_decide (replacement <> None)
         && bool_decide (List.find remove rs = replacement)
      then (m, Ok no_mutation)
      else
        let? kept := ok_or (checked_sub (lenZ (records m)) removed_count) ENOLCK orelse m in
        let? final_len := ok_or (checked_add u32_max kept piece_count) ENOLCK orelse m in
        if MAX_ADVISORY_LOCK_RECORDS <? final_len then (m, Err ENOLCK)
        else
          let '(m, reserved) := ensure_capacity m final_len in
          let? _ := reserved orelse m in
          let '(rs1, _) := compact_slice remove file_start file_end (records m) in
          let rs2 := insert_opt (left_fragment sc) rs1 in
          let rs3 := insert_opt replacement rs2 in
          let rs4 := insert_opt (right_fragment sc) rs3 in
          (mkManager rs4 (capacity m),
           Ok (mkLockMutation true
                 ((bool_decide (lt = None) && negb (removed_count =? 0)) || type_changed sc))).

(** [remove_file_owner]. *)
Definition remove_file_owner (m : AdvisoryLockManager) (f : FileId) (o : LockOwner)
    : AdvisoryLockManager * LockMutation :=
  let '(s, e) := file_bounds m f in
  let '(rs, write) := compact_slice (fun r => bool_decide (owner r = o)) s e (records m) in
  let removed := negb (bool_decide (write = e)) in
  (mkManager rs (capacity m), mkLockMutation removed removed).

Definition remove_process_file (m : AdvisoryLockManager) (pid : Z) (f : FileId)
    : AdvisoryLockManager * LockMutation :=
  remove_file_owner m f (Process pid).

(** [records.retain(keep)] with the length test that reports a change. *)
Definition retain (m : AdvisoryLockManager) (keep : LockRecord -> bool)
    : AdvisoryLockManager * LockMutation :=
  let rs := List.filter keep (records m) in
  let c := negb (lenZ rs =? lenZ (records m)) in
  (mkManager rs (capacity m), mkLockMutation c c).

Definition remove_owner (m : AdvisoryLockManager) (o : LockOwner)
    : AdvisoryLockManager * LockMutation :=
  retain m (fun r => bool_decide (owner r <> o)).

Definition remove_process (m : AdvisoryLockManager) (pid : Z)
    : AdvisoryLockManager * LockMutation :=
  remove_owner m (Process pid).

Definition remove_ofd (m : AdvisoryLockManager) (ofd_id : Z)
    : AdvisoryLockManager * LockMutation :=
  retain m (fun r =>
    negb (match owner r with
          | OpenFileDescription id | Flock id => id =? ofd_id
          | Process _ => false
          end)).

Definition remove_dead_ofd_owners (m : AdvisoryLockManager) (live : Z -> bool)
    : AdvisoryLockManager * LockMutation :=
  retain m (fun r =>
    match owner r with
    | OpenFileDescription id | Flock id => live id
    | Process _ => true
    end).
End Operations.

(** ** Ranges as byte sets *)

(** Byte [p] lies before the endpoint; byte [p] lies in the range. *)
Definition before_end (p : Z) (e : LockRangeEnd) : Prop :=
  match e with Offset z => p < z | Eof => True end.
Definition covers (rg : LockRange) (p : Z) : Prop :=
  start rg <= p /\ before_end p (end_ rg).

(** A normalised range: absolute and not empty. *)
Definition range_ok (rg : LockRange) : Prop :=
  0 <= start rg /\ before_end (start rg) (end_ rg).

#[global] Instance before_end_dec p e : Decision (before_end p e).
Proof. destruct e; simpl; apply _. Defined.
#[global] Instance covers_dec rg p : Decision (covers rg p).
Proof. unfold covers. apply _. Defined.
#[global] Instance range_ok_dec rg : Decision (range_ok rg).
Proof. unfold range_ok. apply _. Defined.

(** Decide a goal about ranges: destruct the endpoints and use [lia]. *)
Ltac range_cases :=
  repeat match goal with
  | r : LockRange |- _ => destruct r as [? [?|]]
  | e : LockRangeEnd |- _ => destruct e
  end.
Ltac ranges :=
  unfold covers, range_ok, before_end, overlaps, touches_or_overlaps, union, end_max,
    end_lt, end_after, start_before_end in *;
  range_cases; simpl in *;
  repeat match goal with
  | H : context [Z.compare ?a ?b] |- _ => destruct (Z.compare_spec a b); simpl in *
  | |- context [Z.compare ?a ?b] => destruct (Z.compare_spec a b); simpl in *
  end; try lia.

Lemma overlaps_true a b : overlaps a b = true <->
  before_end (start b) (end_ a) /\ before_end (start a) (end_ b).
Proof. ranges. Qed.

Lemma overlaps_byte a b : range_ok a -> range_ok b ->
  overlaps a b = true <-> exists p, covers a p /\ covers b p.
Proof.
  intros Ha Hb. rewrite overlaps_true. split.
  - intros ?. exists (Z.max (start a) (start b)). ranges.
  - intros (p & ? & ?). ranges.
Qed.

Lemma overlaps_sym a b : overlaps a b = overlaps b a.
Proof. unfold overlaps, end_after, start_before_end. range_cases; simpl; lia. Qed.

Lemma touches_sym a b : touches_or_overlaps a b = touches_or_overlaps b a.
Proof. unfold touches_or_overlaps. range_cases; simpl; lia. Qed.

Lemma union_covers a b p : range_ok a -> range_ok b -> touches_or_overlaps a b = true ->
  covers (union a b) p <-> covers a p \/ covers b p.
Proof. intros. ranges. Qed.

Lemma union_ok a b : range_ok a -> range_ok b -> range_ok (union a b).
Proof. intros. ranges. Qed.

Lemma union_l a b p : range_ok b -> covers a p -> covers (union a b) p.
Proof. intros. ranges. Qed.

Lemma union_r a b p : range_ok a -> covers b p -> covers (union a b) p.
Proof. intros. ranges. Qed.

Lemma overlaps_touches a b : overlaps a b = true -> touches_or_overlaps a b = true.
Proof. intros. ranges. Qed.

Lemma covers_antisym a b : range_ok a -> range_ok b ->
  (forall p, covers a p -> covers b p) -> (forall p, covers b p -> covers a p) -> a = b.
Proof.
  intros Ha Hb H1 H2.
  assert (start a = start b) as Hs.
  { pose proof (H1 (start a)). pose proof (H2 (start b)). ranges. }
  destruct a as [sa [ea|]], b as [sb [eb|]]; simpl in *; subst; unfold range_ok, covers in *; simpl in *.
  - pose proof (H1 (ea - 1)). pose proof (H2 (eb - 1)). simpl in *.
    replace ea with eb by lia. done.
  - pose proof (H2 (Z.max ea sb)). simpl in *. lia.
  - pose proof (H1 (Z.max eb sb)). simpl in *. lia.
  - done.
Qed.

(** [normalize] yields exactly the bytes of the [struct flock] request. *)
Lemma normalize_ok_spec s l rg : normalize s l = Ok rg ->
  range_ok rg /\ forall p, covers rg p <->
    if l =? 0 then s <= p else if 0 <? l then s <= p < s + l else s + l <= p < s.
Proof.
  unfold normalize, checked_add_i64, ok_or.
  intros H; split_ifs; to_prop; simplify_eq; split; try intros p; ranges.
Qed.

#[export] Hint Resolve union_ok overlaps_touches : kandelo.

(** ** The record order is a strict total order *)

Definition record_key (r : LockRecord) : list Z :=
  file_key (file r) ++ range_key (range r) ++ owner_key (owner r) ++ type_key (lock_type r).

Lemma lex_compare_Eq k1 k2 : lex_compare k1 k2 = Eq <-> k1 = k2.
Proof.
  revert k2; induction k1 as [|x k1 IH]; intros [|y k2]; simpl; try done.
  destruct (Z.compare_spec x y); split; intros; simplify_eq; try lia; [|by apply IH].
  f_equal. by apply IH.
Qed.

Lemma lex_compare_antisym k1 k2 : lex_compare k2 k1 = CompOpp (lex_compare k1 k2).
Proof.
  revert k2; induction k1 as [|x k1 IH]; intros [|y k2]; simpl; try done.
  rewrite (Z.compare_antisym x y). destruct (x ?= y); simpl; auto.
Qed.

Lemma lex_compare_trans k1 k2 k3 :
  lex_compare k1 k2 = Lt -> lex_compare k2 k3 = Lt -> lex_compare k1 k3 = Lt.
Proof.
  revert k2 k3; induction k1 as [|x k1 IH]; intros [|y k2] [|z k3]; simpl; try done.
  destruct (Z.compare_spec x y), (Z.compare_spec y z), (Z.compare_spec x z);
    intros; subst; try lia; try done. eauto.
Qed.

Lemma lex_compare_app a1 a2 b1 b2 : length a1 = length a2 ->
  lex_compare (a1 ++ b1) (a2 ++ b2) = then_with (lex_compare a1 a2) (lex_compare b1 b2).
Proof.
  revert a2; induction a1 as [|x a1 IH]; intros [|y a2]; simpl; try done.
  intros [= H]. rewrite (IH a2 H). by destruct (x ?= y).
Qed.

Lemma record_cmp_key r1 r2 : record_cmp r1 r2 = lex_compare (record_key r1) (record_key r2).
Proof.
  unfold record_cmp, record_key.
  assert (length (file_key (file r1)) = length (file_key (file r2))) as H1
    by (by destruct (file r1), (file r2)).
  assert (length (range_key (range r1)) = length (range_key (range r2))) as H2
    by (unfold range_key; by destruct (end_ (range r1)), (end_ (range r2))).
  assert (length (owner_key (owner r1)) = length (owner_key (owner r2))) as H3
    by (by destruct (owner r1), (owner r2)).
  by rewrite !lex_compare_app.
Qed.

Lemma file_key_inj f g : file_key f = file_key g -> f = g.
Proof. destruct f as [|[]], g as [|[]]; simpl; intros; by simplify_eq. Qed.

Lemma record_key_inj r1 r2 : record_key r1 = record_key r2 -> r1 = r2.
Proof.
  destruct r1 as [[|[]] [] [] [? []]], r2 as [[|[]] [] [] [? []]];
    unfold record_key; simpl; intros; by simplify_eq.
Qed.

Definition rlt (r1 r2 : LockRecord) : Prop := record_cmp r1 r2 = Lt.

#[global] Instance rlt_trans : Transitive rlt.
Proof. intros x y z. unfold rlt. rewrite !record_cmp_key. apply lex_compare_trans. Qed.

Lemma rlt_irrefl r : ~ rlt r r.
Proof. unfold rlt. rewrite record_cmp_key, (proj2 (lex_compare_Eq _ _)); done. Qed.

Lemma rlt_total r1 r2 : rlt r1 r2 \/ r1 = r2 \/ rlt r2 r1.
Proof.
  unfold rlt. rewrite !record_cmp_key, (lex_compare_antisym (record_key r1)).
  destruct (lex_compare (record_key r1) (record_key r2)) eqn:E; simpl; auto.
  right; left. by apply record_key_inj, lex_compare_Eq.
Qed.

Lemma record_lt_spec r1 r2 : record_lt r1 r2 = true <-> rlt r1 r2.
Proof. unfold record_lt, rlt. destruct (record_cmp r1 r2); split; done. Qed.

Lemma file_lt_rlt r1 r2 : file_lt (file r1) (file r2) = true -> rlt r1 r2.
Proof.
  unfold file_lt, rlt, record_cmp.
  by destruct (lex_compare (file_key (file r1)) (file_key (file r2))).
Qed.

Lemma rlt_file r1 r2 : rlt r1 r2 -> file r1 = file r2 \/ file_lt (file r1) (file r2) = true.
Proof.
  unfold file_lt, rlt, record_cmp.
  destruct (lex_compare (file_key (file r1)) (file_key (file r2))) eqn:E; simpl; try done; auto.
  left. by apply file_key_inj, lex_compare_Eq.
Qed.

Lemma file_lt_irrefl f : file_lt f f = false.
Proof. unfold file_lt. by rewrite (proj2 (lex_compare_Eq _ _)). Qed.

Lemma file_lt_trans f g h : file_lt f g = true -> file_lt g h = true -> file_lt f h = true.
Proof.
  unfold file_lt.
  destruct (lex_compare (file_key f) (file_key g)) eqn:E1; try done.
  destruct (lex_compare (file_key g) (file_key h)) eqn:E2; try done.
  by rewrite (lex_compare_trans _ _ _ E1 E2).
Qed.

(** ** The sorted vector *)

Abbreviation sorted := (StronglySorted rlt).

Lemma sorted_app_inv l1 l2 : sorted (l1 ++ l2) ->
  sorted l1 /\ sorted l2 /\ forall x y, In x l1 -> In y l2 -> rlt x y.
Proof.
  induction l1 as [|a l1 IH]; simpl; intros H; [repeat split; auto; [constructor|done]|].
  inversion H as [|? ? Hs Hf]; subst. destruct (IH Hs) as (H1 & H2 & H3).
  rewrite List.Forall_forall in Hf. repeat split; auto.
  - constructor; [done|]. rewrite List.Forall_forall. intros x Hx. apply Hf, in_app_iff; auto.
  - intros x y [<-|Hx] Hy; [apply Hf, in_app_iff; auto|auto].
Qed.

Lemma sorted_app l1 l2 : sorted l1 -> sorted l2 ->
  (forall x y, In x l1 -> In y l2 -> rlt x y) -> sorted (l1 ++ l2).
Proof.
  induction l1 as [|a l1 IH]; simpl; intros H1 H2 H3; [done|].
  inversion H1 as [|? ? Hs Hf]; subst. rewrite List.Forall_forall in Hf.
  constructor; [apply IH; auto|].
  rewrite List.Forall_forall. intros x [Hx|Hx]%in_app_iff; auto.
Qed.

Lemma sorted_NoDup l : sorted l -> List.NoDup l.
Proof.
  induction 1 as [|x l H IH Hf]; constructor; [|done].
  rewrite List.Forall_forall in Hf. intros Hx. by apply (rlt_irrefl x), Hf.
Qed.

Lemma sorted_filter p l : sorted l -> sorted (List.filter p l).
Proof.
  induction 1 as [|x l H IH Hf]; simpl; [constructor|]. destruct (p x); [|done].
  constructor; [done|]. rewrite List.Forall_forall in *.
  intros y [Hy _]%filter_In. auto.
Qed.

(** A prefix-closed predicate splits a sorted vector at its partition point. *)
Lemma partition_point_split p l : sorted l ->
  (forall x y, In x l -> In y l -> rlt x y -> p y = true -> p x = true) ->
  take (partition_point p l) l = List.filter p l
  /\ drop (partition_point p l) l = List.filter (fun x => negb (p x)) l.
Proof.
  intros Hs Hp. induction Hs as [|x l Hs IH Hf]; simpl; [done|].
  rewrite List.Forall_forall in Hf. destruct (p x) eqn:Hx; simpl.
  - destruct IH as [-> ->]; [|done]. intros ????; apply Hp; auto with kandelo.
  - assert (forall y, In y l -> p y = false) as Hall.
    { intros y Hy. destruct (p y) eqn:E; [|done]. rewrite (Hp x y) in Hx; auto with kandelo. }
    split; [|f_equal].
    + clear -Hall. induction l as [|y l IH]; simpl; [done|]. rewrite Hall by auto with kandelo.
      apply IH. auto with kandelo.
    + clear -Hall. induction l as [|y l IH]; simpl; [done|].
      rewrite Hall by auto with kandelo. simpl. f_equal. apply IH. auto with kandelo.
Qed.

Lemma insert_record_sorted r l : sorted l -> ~ In r l -> sorted (insert_record r l).
Proof.
  intros Hs Hn. unfold insert_record, insert_at.
  destruct (partition_point_split (fun x => record_lt x r) l Hs) as [-> ->].
  { intros x y _ _ Hxy. rewrite !record_lt_spec. intros. by transitivity y. }
  apply sorted_app; [by apply sorted_filter| |].
  - constructor; [by apply sorted_filter|]. rewrite List.Forall_forall.
    intros x [Hx Hl]%filter_In. destruct (rlt_total x r) as [H|[->|H]]; [|done|done].
    apply record_lt_spec in H. by rewrite H in Hl.
  - intros x y [_ Hx]%filter_In. rewrite record_lt_spec in Hx. intros [<-|[Hy Hl]%filter_In]; [done|].
    transitivity r; [done|]. destruct (rlt_total y r) as [H|[->|H]]; [|done|done].
    apply record_lt_spec in H. by rewrite H in Hl.
Qed.

Lemma in_insert_record r x l : In x (insert_record r l) <-> x = r \/ In x l.
Proof. apply in_insert_at. Qed.

Lemma in_insert_opt r x l : In x (insert_opt r l) <-> r = Some x \/ In x l.
Proof. destruct r; simpl; [rewrite in_insert_record|]; intuition congruence. Qed.

Lemma length_insert_opt r l : lenZ (insert_opt r l) = lenZ l + opt_count r.
Proof. destruct r; simpl; [unfold insert_record; rewrite length_insert_at|]; lia. Qed.

Lemma insert_opt_sorted r l : sorted l -> (forall x, r = Some x -> ~ In x l) ->
  sorted (insert_opt r l).
Proof. destruct r; simpl; auto using insert_record_sorted. Qed.

Lemma insert_pieces_sorted a b c l : sorted l ->
  (forall x, a = Some x \/ b = Some x \/ c = Some x -> ~ In x l) ->
  (forall x y, (a = Some x -> b = Some y -> x <> y) /\ (a = Some x -> c = Some y -> x <> y)
    /\ (b = Some x -> c = Some y -> x <> y)) ->
  sorted (insert_opt c (insert_opt b (insert_opt a l))).
Proof.
  intros Hs Hn Hd. repeat apply insert_opt_sorted; auto; intros x Hx; rewrite ?in_insert_opt.
  all: destruct (Hd x x) as (H1 & H2 & H3).
  - intros [H|H]; [by apply H1|]. eapply Hn; eauto.
  - intros [H|[H|H]]; [by apply H3|by apply H2|]. eapply Hn; eauto.
Qed.

(** The slice of a file is a contiguous block of the sorted vector. *)
Record file_block (rs : list LockRecord) (f : FileId) (s e : nat)
    (pre sl post : list LockRecord) : Prop := {
  fb_split : rs = pre ++ sl ++ post;
  fb_start : s = length pre;
  fb_end : e = (length pre + length sl)%nat;
  fb_pre : forall x, In x pre -> file x <> f;
  fb_in : forall x, In x sl -> file x = f;
  fb_post : forall x, In x post -> file x <> f;
}.

Lemma file_bounds_block m f s e : sorted (records m) -> file_bounds m f = (s, e) ->
  exists pre sl post, file_block (records m) f s e pre sl post
    /\ slice s e (records m) = sl.
Proof.
  intros Hs. unfold file_bounds.
  set (p1 := fun r => file_lt (file r) f). set (p2 := fun r => bool_decide (file r = f)).
  destruct (partition_point_split p1 (records m) Hs) as [Ht Hd].
  { unfold p1. intros x y _ _ Hxy Hy.
    destruct (rlt_file _ _ Hxy) as [->|H]; [done|]. by eapply file_lt_trans. }
  remember (drop (partition_point p1 (records m)) (records m)) as D eqn:HD.
  assert (sorted D) as HsD by (rewrite Hd; by apply sorted_filter).
  destruct (partition_point_split p2 D HsD) as [Ht2 Hd2].
  { intros x y Hx Hy Hxy. unfold p2. rewrite !bool_decide_eq_true. intros Hf.
    destruct (rlt_file _ _ Hxy) as [->|H]; [done|]. rewrite Hf in H.
    rewrite Hd in Hx. apply filter_In in Hx as [_ Hx]. unfold p1 in Hx. by rewrite H in Hx. }
  intros [= <- <-].
  exists (take (partition_point p1 (records m)) (records m)),
    (take (partition_point p2 D) D), (drop (partition_point p2 D) D).
  pose proof (partition_point_le p1 (records m)). pose proof (partition_point_le p2 D).
  split; [split|].
  - rewrite take_drop, HD, take_drop. done.
  - rewrite length_take. lia.
  - rewrite !length_take. lia.
  - intros x Hx Hf. rewrite Ht in Hx. apply filter_In in Hx as [_ Hx]. unfold p1 in Hx.
    by rewrite Hf, file_lt_irrefl in Hx.
  - intros x Hx. rewrite Ht2 in Hx. apply filter_In in Hx as [_ Hx]. by apply bool_decide_eq_true in Hx.
  - intros x Hx Hf. rewrite Hd2 in Hx. apply filter_In in Hx as [_ Hx].
    unfold p2 in Hx. by rewrite bool_decide_eq_true_2 in Hx.
  - unfold slice. rewrite <- HD. f_equal. lia.
Qed.

Lemma compact_fold d pre kept g sl post :
  exists g', fold_left (compact_step d) (seq (length pre + length kept + length g) (length sl))
    (pre ++ kept ++ g ++ sl ++ post, (length pre + length kept)%nat)
  = (pre ++ (kept ++ List.filter (fun x => negb (d x)) sl) ++ g' ++ post,
     (length pre + length (kept ++ List.filter (fun x => negb (d x)) sl))%nat)
  /\ (length (kept ++ List.filter (fun x => negb (d x)) sl) + length g'
      = length kept + length g + length sl)%nat.
Proof.
  revert kept g. induction sl as [|x sl IH]; intros kept g; simpl.
  { exists g. rewrite !app_nil_r. split; [done|lia]. }
  assert ((pre ++ kept ++ g ++ x :: sl ++ post) !! (length pre + length kept + length g)%nat = Some x) as Hx.
  { rewrite !app_assoc, lookup_app_r by solve_len.
    replace (_ - _)%nat with 0%nat by solve_len. done. }
  rewrite Hx. destruct (d x) eqn:Hdx; simpl.
  - destruct (IH kept (g ++ [x])) as (g' & Hf & Hl). exists g'.
    rewrite !length_app in *. simpl in *. split; [|lia].
    rewrite <- Hf. f_equal; [f_equal; lia|]. by rewrite <- !app_assoc.
  - destruct g as [|y g]; simpl.
    + rewrite bool_decide_eq_false_2 by lia.
      destruct (IH (kept ++ [x]) []) as (g' & Hf & Hl). exists g'.
      rewrite <- !app_assoc in *. simpl in *. rewrite !length_app in *. simpl in *.
      split; [|lia]. rewrite <- Hf. f_equal; [f_equal; lia|f_equal; lia].
    + rewrite bool_decide_eq_true_2 by lia.
      rewrite insert_app_r_alt by lia. rewrite insert_app_r_alt by lia.
      replace (_ - _ - _)%nat with 0%nat by lia. simpl.
      destruct (IH (kept ++ [x]) (g ++ [x])) as (g' & Hf & Hl). exists g'.
      rewrite <- !app_assoc in *. simpl in *. rewrite !length_app in *. simpl in *.
      split; [|lia]. rewrite <- Hf. f_equal; [f_equal; lia|f_equal; lia].
Qed.

(** The in-place compaction is a filter of the slice. *)
Lemma compact_slice_filter d s e rs f pre sl post : file_block rs f s e pre sl post ->
  compact_slice d s e rs
  = (pre ++ List.filter (fun x => negb (d x)) sl ++ post,
     (s + length (List.filter (fun x => negb (d x)) sl))%nat).
Proof.
  intros [-> -> -> _ _ _]. unfold compact_slice.
  replace (length pre + length sl - length pre)%nat with (length sl) by lia.
  destruct (compact_fold d pre [] [] sl post) as (g & Hf & Hl). simpl in *.
  rewrite !Nat.add_0_r in Hf. rewrite Hf. f_equal. case_bool_decide.
  - set (kept := List.filter _ sl) in *.
    rewrite (app_assoc pre kept), take_app_length' by solve_len.
    rewrite (app_assoc _ g), drop_app_length' by solve_len. by rewrite <- app_assoc.
  - destruct g; [|solve_len]. simpl. done.
Qed.

(** ** The scan and the coalescing loop *)

(** Range inclusion on the endpoints. *)
Definition subrange (a b : LockRange) : Prop :=
  start b <= start a /\
  match end_ b with
  | Eof => True
  | Offset z2 => match end_ a with Offset z1 => z1 <= z2 | Eof => False end
  end.

Lemma subrange_covers a b p : subrange a b -> covers a p -> covers b p.
Proof. unfold subrange. intros. ranges. Qed.
Lemma subrange_union_l a b c : subrange a b -> subrange a (union b c).
Proof. unfold subrange. intros. ranges. Qed.
Lemma subrange_union_r a b c : subrange a c -> subrange a (union b c).
Proof. unfold subrange. intros. ranges. Qed.
Lemma subrange_refl a : subrange a a.
Proof. unfold subrange. ranges. Qed.
Lemma subrange_trans a b c : subrange a b -> subrange b c -> subrange a c.
Proof. unfold subrange. intros. ranges. Qed.
Lemma union_subrange_id a b : subrange b a -> union a b = a.
Proof. unfold subrange, union, end_max. range_cases; simpl; intros; repeat case_match; f_equal; try f_equal; try lia; try done.
  all: match goal with H : context [?x ?= ?y] |- _ => destruct (Z.compare_spec x y); simpl in *; try done; try lia end.
Qed.
Lemma subrange_union_lub a b c : subrange a c -> subrange b c -> subrange (union a b) c.
Proof. unfold subrange. intros. ranges. Qed.
Lemma subrange_antisym a b : subrange a b -> subrange b a -> a = b.
Proof. unfold subrange. range_cases; simpl; intros; try lia; repeat f_equal; lia. Qed.
(** A range apart from [r] is apart from a fragment of [r] cut by [q]. *)
Lemma touches_left_cut x r q : range_ok x -> range_ok q ->
  touches_or_overlaps x r = false -> overlaps r q = true -> start r < start q ->
  touches_or_overlaps x (mkLockRange (start r) (Offset (start q))) = false.
Proof. intros. ranges. Qed.
Lemma touches_right_cut x r q e : range_ok x -> range_ok q -> range_ok r ->
  touches_or_overlaps x r = false -> overlaps r q = true -> end_ q = Offset e ->
  end_lt (Offset e) (end_ r) = true ->
  touches_or_overlaps x (mkLockRange e (end_ r)) = false.
Proof. intros ? ? ? ? ? Hq ?. destruct q as [? [|]]; simplify_eq/=. ranges. Qed.
Lemma touches_subrange a b c : subrange b c -> touches_or_overlaps a b = true ->
  touches_or_overlaps a c = true.
Proof. unfold subrange. intros. ranges. Qed.
#[export] Hint Resolve subrange_refl subrange_union_l subrange_union_r : kandelo.

(** Ranges that reach over one edge of a third share a byte. *)
Lemma left_edge_overlap a b q : overlaps a q = true -> overlaps b q = true ->
  start a < start q -> start b < start q -> overlaps a b = true.
Proof. intros. ranges. Qed.
Lemma right_edge_overlap a b q e : range_ok a -> range_ok b ->
  overlaps a q = true -> overlaps b q = true -> end_ q = Offset e ->
  end_lt (Offset e) (end_ a) = true -> end_lt (Offset e) (end_ b) = true ->
  overlaps a b = true.
Proof. intros ? ? ? ? Hq ? ?. destruct q as [? [?|]]; simplify_eq/=. ranges. Qed.

(** Two records of one owner on one file: disjoint, and not even adjacent
    when they have one type. *)
Definition apart (r1 r2 : LockRecord) : Prop :=
  overlaps (range r1) (range r2) = false
  /\ (lock_type r1 = lock_type r2 -> touches_or_overlaps (range r1) (range r2) = false).

Section Request.
Context (rs : list LockRecord) (o : LockOwner) (lt : option AdvisoryLockType)
        (requested : LockRange).
Hypothesis Hreq : range_ok requested.
Hypothesis Hok : forall r, In r rs -> range_ok (range r).
Hypothesis Hapart : forall r1 r2, In r1 rs -> In r2 rs ->
  owner r1 = o -> owner r2 = o -> r1 <> r2 -> apart r1 r2.

(** A record of the caller with the requested type. *)
Definition same (r : LockRecord) : Prop :=
  In r rs /\ owner r = o /\ lt = Some (lock_type r).
(** A record of the caller with another type (any type on unlock). *)
Definition other (r : LockRecord) : Prop :=
  In r rs /\ owner r = o /\ lt <> Some (lock_type r).

(** [m] is the request extended by records of the caller of the same type. *)
Definition hull (m : LockRange) : Prop :=
  range_ok m /\ subrange requested m /\
  forall p, covers m p -> covers requested p
    \/ exists r, same r /\ covers (range r) p /\ subrange (range r) m.

Lemma hull_requested : hull requested.
Proof. split; [done|]. split; auto with kandelo. Qed.

Lemma union_hull m r : hull m -> same r ->
  touches_or_overlaps (range r) m = true -> hull (union m (range r)).
Proof.
  intros (Hm & Hs & Hc) Hr Ht. pose proof Hr as (Hin & _). specialize (Hok r Hin).
  split; [auto with kandelo|]. split; [auto with kandelo|].
  intros p Hp. rewrite touches_sym in Ht. apply union_covers in Hp as [Hp|Hp]; auto.
  - destruct (Hc p Hp) as [?|(r' & ? & ? & ?)]; [auto|].
    right. exists r'. auto with kandelo.
  - right. exists r. auto with kandelo.
Qed.

Lemma scan_record_skip acc r :
  owner r <> o \/ overlaps (range r) requested = false ->
  scan_record o lt requested acc r = acc.
Proof.
  intros H. unfold scan_record. destruct H as [H|H]; [|rewrite H, orb_true_r; done].
  by rewrite bool_decide_eq_true_2.
Qed.

Lemma scan_record_same acc r : same r -> overlaps (range r) requested = true ->
  subrange requested (merged_request acc) ->
  scan_record o lt requested acc r
  = mkScan (left_fragment acc) (right_fragment acc)
      (union (merged_request acc) (range r)) (type_changed acc).
Proof.
  intros (Hin & Ho & Hlt) Hov Hsub. specialize (Hok r Hin).
  unfold scan_record. rewrite bool_decide_eq_false_2, Hov by auto. simpl.
  unfold scan_type, scan_right, scan_left, with_range. rewrite Hlt.
  destruct r as [f' o' t' rg]; simpl in *.
  rewrite (bool_decide_eq_true_2 (Some t' = Some t')), (bool_decide_eq_false_2 (t' <> t')) by naive_solver.
  unfold subrange in *. destruct acc as [l ri m tc]; simpl in *.
  rewrite ?orb_false_r.
  destruct rg as [sr [er|]], requested as [sq [eq|]], m as [sm [em|]];
    unfold union, end_max, end_lt, overlaps, end_after, start_before_end, range_ok in *; simpl in *;
    try lia;
    repeat (match goal with
    | |- context [?a <? ?b] => destruct (Z.ltb_spec a b)
    | |- context [?a ?= ?b] => destruct (Z.compare_spec a b)
    end; simpl); rewrite ?orb_false_r; try lia;
    f_equal; f_equal; first [lia | f_equal; lia | done].
Qed.

(** The fragments that a record of another type leaves. *)
Definition left_of (r : LockRecord) : LockRecord :=
  with_range r (mkLockRange (start (range r)) (Offset (start requested))).
Definition cuts_left (r : LockRecord) : Prop :=
  other r /\ overlaps (range r) requested = true /\ start (range r) < start requested.
Definition cuts_right (r : LockRecord) (e : Z) : Prop :=
  other r /\ overlaps (range r) requested = true /\ end_ requested = Offset e
  /\ end_lt (Offset e) (end_ (range r)) = true.
Definition right_of (r : LockRecord) (e : Z) : LockRecord :=
  with_range r (mkLockRange e (end_ (range r))).

Lemma scan_left_other acc r : other r -> overlaps (range r) requested = true ->
  let acc' := scan_left lt requested r acc in
  merged_request acc' = merged_request acc /\ right_fragment acc' = right_fragment acc
  /\ ((cuts_left r /\ left_fragment acc' = Some (left_of r))
      \/ (~ cuts_left r /\ left_fragment acc' = left_fragment acc)).
Proof.
  intros Hr Hov. pose proof Hr as (_ & _ & Hlt). simpl. unfold scan_left.
  rewrite (bool_decide_eq_false_2 (lt = _)) by done.
  destruct (Z.ltb_spec (start (range r)) (start requested)) as [Hs|Hs]; simpl; repeat split.
  - left. unfold cuts_left. auto.
  - right. split; [|done]. intros (_ & _ & ?). lia.
Qed.

Lemma scan_right_other acc r : other r -> overlaps (range r) requested = true ->
  let acc' := scan_right lt requested r acc in
  merged_request acc' = merged_request acc /\ left_fragment acc' = left_fragment acc
  /\ ((exists e, cuts_right r e /\ right_fragment acc' = Some (right_of r e))
      \/ ((forall e, ~ cuts_right r e) /\ right_fragment acc' = right_fragment acc)).
Proof.
  intros Hr Hov. pose proof Hr as (_ & _ & Hlt). simpl. unfold scan_right.
  rewrite (bool_decide_eq_false_2 (lt = _)) by done.
  unfold cuts_right. destruct (end_ requested) as [e|].
  - destruct (end_lt (Offset e) (end_ (range r))) eqn:He; simpl; repeat split.
    + left. exists e. auto.
    + right. split; [|done]. intros e' (_ & _ & [= <-] & He'). congruence.
  - assert (end_lt Eof (end_ (range r)) = false) as -> by (by destruct (end_ (range r))).
    repeat split. right. split; [|done]. intros e (_ & _ & ? & _). done.
Qed.

Lemma scan_record_other acc r : other r -> overlaps (range r) requested = true ->
  let acc' := scan_record o lt requested acc r in
  merged_request acc' = merged_request acc
  /\ ((cuts_left r /\ left_fragment acc' = Some (left_of r))
      \/ (~ cuts_left r /\ left_fragment acc' = left_fragment acc))
  /\ ((exists e, cuts_right r e /\ right_fragment acc' = Some (right_of r e))
      \/ ((forall e, ~ cuts_right r e) /\ right_fragment acc' = right_fragment acc)).
Proof.
  intros Hr Hov. pose proof Hr as (Hin & Ho & Hlt). simpl.
  unfold scan_record. rewrite bool_decide_eq_false_2, Hov by auto. simpl.
  assert (forall a, merged_request (scan_type lt r a) = merged_request a
    /\ left_fragment (scan_type lt r a) = left_fragment a
    /\ right_fragment (scan_type lt r a) = right_fragment a) as Hst by (by destruct lt).
  destruct (Hst (scan_right lt requested r (scan_left lt requested r acc))) as (-> & -> & ->).
  destruct (scan_right_other (scan_left lt requested r acc) r Hr Hov) as (-> & -> & HR).
  destruct (scan_left_other acc r Hr Hov) as (-> & HE & HL).
  rewrite HE in HR. auto.
Qed.

(** What the scan of a prefix [done] of the slice has established. *)
Record scan_ok (acc : Scan) (done : list LockRecord) : Prop := {
  so_hull : hull (merged_request acc);
  so_left : forall x, left_fragment acc = Some x -> exists r, cuts_left r /\ x = left_of r;
  so_right : forall x, right_fragment acc = Some x ->
    exists r e, cuts_right r e /\ x = right_of r e;
  so_left_c : forall r, In r done -> cuts_left r -> left_fragment acc <> None;
  so_right_c : forall r e, In r done -> cuts_right r e -> right_fragment acc <> None;
  so_same : forall r, In r done -> same r -> overlaps (range r) requested = true ->
    subrange (range r) (merged_request acc);
}.

Lemma scan_step acc dn r : scan_ok acc dn -> In r rs ->
  scan_ok (scan_record o lt requested acc r) (r :: dn).
Proof.
  intros [H1 H2 H3 H4 H5 H6] Hin.
  destruct (decide (owner r = o /\ overlaps (range r) requested = true)) as [[Ho Hov]|Hsk].
  2:{ rewrite scan_record_skip
        by (destruct (decide (owner r = o)), (overlaps (range r) requested); auto; by destruct Hsk).
      split; auto.
      - intros r' [<-|?] Hc; [destruct Hc as ((_ & ? & _) & ? & _); by destruct Hsk|eauto].
      - intros r' e [<-|?] Hc; [destruct Hc as ((_ & ? & _) & ? & _); by destruct Hsk|eauto].
      - intros r' [<-|?] Hs' ?; [destruct Hs' as (_ & ? & _); by destruct Hsk|eauto]. }
  destruct (decide (lt = Some (lock_type r))) as [Hlt|Hlt].
  - rewrite scan_record_same by (try done; apply H1).
    split; simpl; auto.
    + apply union_hull; try done; auto with kandelo.
      apply (touches_subrange _ requested); auto with kandelo. apply H1.
    + intros r' [<-|?]; [|eauto]. by intros ((_ & _ & ?) & _).
    + intros r' e [<-|?]; [|eauto]. by intros ((_ & _ & ?) & _).
    + intros r' [<-|?]; auto with kandelo.
  - pose proof (scan_record_other acc r ltac:(done) Hov) as (Hm & Hl & Hr). simpl in *.
    split; rewrite ?Hm; auto.
    + intros x Hx. destruct Hl as [[? Hl]|[? Hl]]; rewrite Hl in Hx; [|auto]. simplify_eq. eauto.
    + intros x Hx. destruct Hr as [(e & ? & Hr)|[? Hr]]; rewrite Hr in Hx; [|auto].
      simplify_eq. eauto.
    + intros r' [<-|?] ?; destruct Hl as [[? ->]|[? ->]]; try done; eauto.
    + intros r' e [<-|?] Hc; destruct Hr as [(? & ? & ->)|[Hn ->]]; try done; [|eauto].
      by destruct (Hn e).
    + intros r' [<-|?]; [|auto]. by intros (_ & _ & ?).
Qed.

Lemma scan_fold l acc dn : scan_ok acc dn -> (forall r, In r l -> In r rs) ->
  scan_ok (fold_left (scan_record o lt requested) l acc) (rev l ++ dn).
Proof.
  revert acc dn. induction l as [|r l IH]; intros acc dn H Hl; simpl; [done|].
  rewrite <- app_assoc. apply IH; [|auto with kandelo].
  apply scan_step; auto with kandelo.
Qed.

Lemma scan_correct : scan_ok (scan o lt requested rs) (rev rs).
Proof.
  rewrite <- (app_nil_r (rev rs)). apply scan_fold; [|done].
  split; simpl; try done. apply hull_requested.
Qed.

(** The left fragment is unique, because the records that reach over the
    left edge of the request share the byte at that edge. *)
Lemma cuts_left_unique r1 r2 : cuts_left r1 -> cuts_left r2 -> r1 = r2.
Proof.
  intros (Hr1 & Ho1 & Hs1) (Hr2 & Ho2 & Hs2).
  destruct (decide (r1 = r2)) as [|Hne]; [done|exfalso].
  destruct Hr1 as (? & ? & ?), Hr2 as (? & ? & ?).
  destruct (Hapart r1 r2) as [Hd _]; auto.
  by rewrite (left_edge_overlap (range r1) (range r2) requested) in Hd.
Qed.

Lemma cuts_right_unique r1 e1 r2 e2 :
  cuts_right r1 e1 -> cuts_right r2 e2 -> r1 = r2 /\ e1 = e2.
Proof.
  intros (Hr1 & Ho1 & Hq1 & Hs1) (Hr2 & Ho2 & Hq2 & Hs2).
  split; [|congruence]. destruct (decide (r1 = r2)) as [|Hne]; [done|exfalso].
  destruct Hr1 as (? & ? & ?), Hr2 as (? & ? & ?).
  destruct (Hapart r1 r2) as [Hd _]; auto.
  assert (range_ok (range r1)) as Hk1 by auto. assert (range_ok (range r2)) as Hk2 by auto.
  assert (e2 = e1) as -> by congruence.
  by rewrite (right_edge_overlap (range r1) (range r2) requested e1) in Hd.
Qed.

(** *** Coalescing *)

Lemma coalesce_record_hull t m r : lt = Some t -> hull m -> In r rs ->
  hull (coalesce_record o t m r) /\ subrange m (coalesce_record o t m r).
Proof.
  intros Hlt Hm Hin. unfold coalesce_record.
  destruct (_ && _ && _) eqn:E; [|auto with kandelo]. to_prop. split; [|auto with kandelo].
  apply union_hull; auto. split; [done|]. split; [done|]. congruence.
Qed.

Lemma coalesce_fold_hull t m l : lt = Some t -> hull m -> (forall r, In r l -> In r rs) ->
  hull (fold_left (coalesce_record o t) l m) /\ subrange m (fold_left (coalesce_record o t) l m).
Proof.
  intros Hlt. revert m. induction l as [|r l IH]; intros m Hm Hl; simpl; [auto with kandelo|].
  destruct (coalesce_record_hull t m r Hlt Hm) as [H1 H2]; [auto with kandelo|].
  destruct (IH _ H1) as [H3 H4]; [auto with kandelo|]. eauto using subrange_trans.
Qed.

(** A pass that changes nothing has absorbed every record it touches. *)
Lemma coalesce_fold_id t m l : lt = Some t -> hull m -> (forall r, In r l -> In r rs) ->
  fold_left (coalesce_record o t) l m = m ->
  forall r, In r l -> owner r = o -> lock_type r = t ->
    touches_or_overlaps (range r) m = true -> subrange (range r) m.
Proof.
  intros Hlt. revert m. induction l as [|x l IH]; intros m Hm Hl Heq r; simpl; [done|].
  simpl in Heq. destruct (coalesce_record_hull t m x Hlt Hm) as [H1 H2]; [auto with kandelo|].
  destruct (coalesce_fold_hull t _ l Hlt H1) as [_ H4]; [auto with kandelo|].
  assert (coalesce_record o t m x = m) as Hx.
  { apply subrange_antisym; [|done]. by rewrite Heq in H4. }
  rewrite Hx in *. intros [<-|Hr]; [|by apply IH; auto with kandelo].
  intros Ho Ht Htt. unfold coalesce_record in Hx.
  rewrite !bool_decide_eq_true_2, Htt in Hx by done. simpl in Hx.
  rewrite <- Hx. auto with kandelo.
Qed.

(** The records a hull contains: the measure of the loop. *)
Definition inside (t : AdvisoryLockType) (m : LockRange) (r : LockRecord) : bool :=
  bool_decide (owner r = o /\ lock_type r = t) && bool_decide (union m (range r) = m).

Lemma inside_mono t m m' r : subrange m m' -> inside t m r = true -> inside t m' r = true.
Proof.
  unfold inside. intros Hs H. to_prop. rewrite bool_decide_eq_true_2 by done. simpl.
  apply bool_decide_eq_true_2, union_subrange_id. eapply subrange_trans; [|done].
  match goal with H : union _ _ = _ |- _ => rewrite <- H end. auto with kandelo.
Qed.

Lemma coalesce_fold_grow t m l : lt = Some t -> hull m -> (forall r, In r l -> In r rs) ->
  fold_left (coalesce_record o t) l m <> m ->
  exists r, In r l /\ inside t m r = false
    /\ inside t (fold_left (coalesce_record o t) l m) r = true.
Proof.
  intros Hlt. revert m. induction l as [|x l IH]; intros m Hm Hl Hne; simpl in *; [done|].
  destruct (coalesce_record_hull t m x Hlt Hm) as [H1 H2]; [auto|].
  destruct (decide (coalesce_record o t m x = m)) as [Hx|Hx].
  - rewrite Hx in *. destruct (IH m Hm) as (r & ? & ? & ?); auto. eauto.
  - exists x. split; [auto|]. unfold inside, coalesce_record in *.
    destruct (bool_decide (owner x = o) && bool_decide (lock_type x = t)
              && touches_or_overlaps (range x) m) eqn:E; [|done]. to_prop.
    rewrite (bool_decide_eq_true_2 (_ /\ _)) by done. split; simpl.
    { by apply bool_decide_eq_false_2. }
    apply bool_decide_eq_true_2, union_subrange_id.
    destruct (coalesce_fold_hull t _ l Hlt H1) as [_ H4]; [auto|].
    eapply subrange_trans; [|exact H4]. auto with kandelo.
Qed.

Lemma filter_le_mono {A} (p q : A -> bool) l : (forall x, p x = true -> q x = true) ->
  (length (List.filter p l) <= length (List.filter q l))%nat.
Proof.
  intros H. induction l as [|x l IH]; simpl; [lia|].
  destruct (p x) eqn:Hp; [rewrite (H _ Hp); simpl; lia|]. destruct (q x); simpl; lia.
Qed.

Lemma filter_lt_mono {A} (p q : A -> bool) l x : (forall x, p x = true -> q x = true) ->
  In x l -> p x = false -> q x = true ->
  (length (List.filter p l) < length (List.filter q l))%nat.
Proof.
  intros H Hin Hp Hq. induction l as [|y l IH]; simpl; [done|].
  pose proof (filter_le_mono p q l H). destruct Hin as [->|Hin].
  - rewrite Hp, Hq. simpl. lia.
  - specialize (IH Hin). destruct (p y) eqn:Hy; [rewrite (H _ Hy); simpl; lia|].
    destruct (q y); simpl; lia.
Qed.

(** Termination of the coalescing loop: the fuel of [coalesce] reaches a
    fixed point of the pass. *)
Lemma coalesce_loop_fix t fuel m : lt = Some t -> hull m ->
  (length rs < fuel + length (List.filter (inside t m) rs))%nat ->
  let m' := coalesce_loop fuel o t rs m in
  hull m' /\ subrange m m' /\ coalesce_pass o t rs m' = m'.
Proof.
  intros Hlt. revert m. induction fuel as [|fuel IH]; intros m Hm Hf; simpl.
  { pose proof (filter_length_le (inside t m) rs). lia. }
  destruct (coalesce_fold_hull t m rs Hlt Hm) as [H1 H2]; [done|].
  case_bool_decide as Heq; [rewrite Heq; auto with kandelo|].
  destruct (coalesce_fold_grow t m rs Hlt Hm) as (r & ? & ? & ?); [done|done|].
  destruct (IH (coalesce_pass o t rs m)) as (? & ? & ?); [done| |eauto using subrange_trans].
  assert (length (List.filter (inside t m) rs)
          < length (List.filter (inside t (coalesce_pass o t rs m)) rs))%nat; [|lia].
  eapply filter_lt_mono; eauto. intros x. by apply inside_mono.
Qed.

(** The result of scan and coalescing together. *)
Lemma coalesce_correct m : hull m ->
  let m' := coalesce o lt rs m in
  hull m' /\ subrange m m'
  /\ forall r, same r -> touches_or_overlaps (range r) m' = true -> subrange (range r) m'.
Proof.
  intros Hm. unfold coalesce. destruct lt as [t|] eqn:Hlt.
  - destruct (coalesce_loop_fix t (S (length rs)) m) as (H1 & H2 & H3); auto; [lia|].
    split; [done|]. split; [done|]. intros r (Hin & Ho & Ht).
    assert (t = lock_type r) as -> by congruence.
    by apply (coalesce_fold_id (lock_type r) _ rs).
  - split; [done|]. split; [apply subrange_refl|]. intros r (_ & _ & ?). congruence.
Qed.
End Request.

(** ** The invariant and the byte map *)

(** The vector is canonical: strictly sorted, non-empty ranges, one owner's
    records on a file apart, conflicting owners disjoint, at most
    [MAX_ADVISORY_LOCK_RECORDS] records. *)
Record wf (rs : list LockRecord) : Prop := {
  wf_sorted : sorted rs;
  wf_ok : forall r, In r rs -> range_ok (range r);
  wf_apart : forall r1 r2, In r1 rs -> In r2 rs -> file r1 = file r2 ->
    owner r1 = owner r2 -> r1 <> r2 -> apart r1 r2;
  wf_excl : forall r1 r2, In r1 rs -> In r2 rs -> file r1 = file r2 ->
    owner r1 <> owner r2 -> conflicts_in_namespace (owner r1) (owner r2) = true ->
    overlaps (range r1) (range r2) = true -> lock_type r1 = Read /\ lock_type r2 = Read;
  wf_len : lenZ rs <= MAX_ADVISORY_LOCK_RECORDS;
}.

(** Some record in the set [P] gives [o] a lock of type [t] on byte [p]. *)
Definition holds (P : LockRecord -> Prop) (f : FileId) (o : LockOwner) (p : Z)
    (t : AdvisoryLockType) : Prop :=
  exists r, P r /\ file r = f /\ owner r = o /\ lock_type r = t /\ covers (range r) p.

(** The abstract state: the lock type that [o] holds on byte [p] of [f]. *)
Definition held (rs : list LockRecord) (f : FileId) (o : LockOwner) (p : Z)
    : option AdvisoryLockType :=
  option_map lock_type
    (List.find (fun r => bool_decide (file r = f) && bool_decide (owner r = o)
                         && bool_decide (covers (range r) p)) rs).

Lemma holds_unique rs f o p t1 t2 : wf rs ->
  holds (fun r => In r rs) f o p t1 -> holds (fun r => In r rs) f o p t2 -> t1 = t2.
Proof.
  intros Hwf (r1 & H1 & <- & <- & <- & Hp1) (r2 & H2 & Hf & Ho & <- & Hp2).
  destruct (decide (r1 = r2)) as [->|Hne]; [done|].
  destruct (wf_apart rs Hwf r1 r2) as [Hd _]; auto.
  assert (overlaps (range r1) (range r2) = true); [|congruence].
  apply overlaps_byte; eauto using wf_ok.
Qed.

Lemma held_Some rs f o p t : wf rs ->
  held rs f o p = Some t <-> holds (fun r => In r rs) f o p t.
Proof.
  intros Hwf. unfold held. split.
  - destruct (List.find _ rs) as [r|] eqn:E; [|done]. intros [= <-].
    apply find_some in E as [Hin E]. to_prop. exists r. auto.
  - intros Hh. destruct (List.find _ rs) as [r|] eqn:E; simpl.
    + apply find_some in E as [Hin E]. to_prop. f_equal. eapply holds_unique; eauto.
      exists r. auto.
    + destruct Hh as (r & Hin & <- & <- & <- & Hc).
      eapply find_none in E; [|done]. simpl in E. rewrite !bool_decide_eq_true_2 in E; done.
Qed.

Lemma option_eq_by {A} (a b : option A) : (forall x, a = Some x <-> b = Some x) -> a = b.
Proof.
  intros H. destruct a as [x|]; [symmetry; by apply H|].
  destruct b as [y|]; [|done]. by apply H.
Qed.

(** ** What a committed request leaves in the vector *)
Section Commit.
Context (rs : list LockRecord) (f : FileId) (o : LockOwner)
        (lt : option AdvisoryLockType) (requested : LockRange) (sl : list LockRecord).
Hypothesis Hwf : wf rs.
Hypothesis Hreq : range_ok requested.
Hypothesis Hsl : forall r, In r sl <-> In r rs /\ file r = f.

Let sc := scan o lt requested sl.
Let merged := coalesce o lt sl (merged_request sc).
Let repl := option_map (fun t => mkLockRecord f o t merged) lt.

Definition new_records (x : LockRecord) : Prop :=
  (In x rs /\ ~ (file x = f /\ should_remove o lt requested merged x = true))
  \/ left_fragment sc = Some x \/ repl = Some x \/ right_fragment sc = Some x.

Lemma repl_Some x : repl = Some x ->
  exists t, lt = Some t /\ x = mkLockRecord f o t merged.
Proof. unfold repl. case_eq lt; simpl; [intros t Ht [= <-]|done]. eauto. Qed.

Lemma sl_ok r : In r sl -> range_ok (range r).
Proof. intros [? _]%Hsl. eauto using wf_ok. Qed.

Lemma sl_apart r1 r2 : In r1 sl -> In r2 sl -> owner r1 = o -> owner r2 = o ->
  r1 <> r2 -> apart r1 r2.
Proof.
  intros [? ?]%Hsl [? ?]%Hsl ? ? ?. apply (wf_apart rs Hwf); congruence.
Qed.

Lemma sc_ok : scan_ok sl o lt requested sc (rev sl).
Proof. apply scan_correct; auto using sl_ok. Qed.

Lemma merged_ok : hull sl o lt requested merged
  /\ forall r, same sl o lt r -> touches_or_overlaps (range r) merged = true ->
       subrange (range r) merged.
Proof.
  destruct (coalesce_correct sl o lt requested sl_ok (merged_request sc)) as (? & _ & ?);
    [apply sc_ok|auto].
Qed.

(** A removed record of the requested type lies in the merged range. *)
Lemma removed_same r : same sl o lt r ->
  should_remove o lt requested merged r = true -> subrange (range r) merged.
Proof.
  intros Hr Hrem. destruct merged_ok as [Hh Ht]. apply Ht; [done|].
  pose proof Hr as (Hin & Ho & Hlt). unfold should_remove in Hrem.
  rewrite bool_decide_eq_false_2 in Hrem by auto.
  destruct (overlaps (range r) requested) eqn:E.
  - eapply touches_subrange; [apply Hh|]. by apply overlaps_touches.
  - rewrite Hlt in Hrem. by to_prop.
Qed.

Lemma left_complete r : cuts_left sl o lt requested r ->
  left_fragment sc = Some (left_of requested r).
Proof.
  intros Hr. destruct (left_fragment sc) as [x|] eqn:E.
  - destruct (so_left _ _ _ _ _ _ sc_ok x E) as (r' & Hr' & ->).
    by rewrite (cuts_left_unique sl o lt requested sl_apart r r').
  - exfalso. eapply (so_left_c _ _ _ _ _ _ sc_ok r); eauto.
    apply in_rev. rewrite rev_involutive. apply Hr.
Qed.

Lemma right_complete r e : cuts_right sl o lt requested r e ->
  right_fragment sc = Some (right_of r e).
Proof.
  intros Hr. destruct (right_fragment sc) as [x|] eqn:E.
  - destruct (so_right _ _ _ _ _ _ sc_ok x E) as (r' & e' & Hr' & ->).
    by destruct (cuts_right_unique sl o lt requested sl_ok sl_apart r e r' e') as [<- <-].
  - exfalso. eapply (so_right_c _ _ _ _ _ _ sc_ok r); eauto.
    apply in_rev. rewrite rev_involutive. apply Hr.
Qed.

(** A new record of the caller: where its bytes come from. *)
Lemma new_records_sound x p : new_records x -> covers (range x) p ->
  file x = f -> owner x = o ->
  (covers requested p /\ lt = Some (lock_type x))
  \/ (~ covers requested p /\ holds (fun r => In r rs) f o p (lock_type x)).
Proof.
  intros Hx Hp Hf Ho. destruct Hx as [[Hin Hnr]|[Hx|[Hx|Hx]]].
  - right. split; [|exists x; auto]. intros Hq. apply Hnr. split; [done|].
    unfold should_remove. rewrite bool_decide_eq_false_2 by auto.
    rewrite (proj2 (overlaps_byte _ _ (wf_ok rs Hwf x Hin) Hreq)); eauto.
  - destruct (so_left _ _ _ _ _ _ sc_ok x Hx) as (r & (Hr & Hov & Hs) & ->).
    right. unfold left_of, with_range in *; simpl in *. split.
    + unfold covers in *; simpl in *. lia.
    + destruct Hr as ([? ?]%Hsl & ? & _). exists r. repeat split; auto; [apply Hp|].
      unfold covers in Hp; simpl in Hp. destruct (range r) as [? [|]], requested as [? [|]];
        unfold overlaps, end_after, start_before_end in Hov; simpl in *; to_prop; try done; lia.
  - destruct (repl_Some x Hx) as (t & Hlt & ->). simpl in *.
    destruct merged_ok as [(_ & _ & Hh) _].
    destruct (decide (covers requested p)) as [Hq|Hq]; [left; done|right].
    split; [done|]. destruct (Hh p Hp) as [?|(r & Hr & Hrp & _)]; [done|].
    destruct Hr as ([? ?]%Hsl & ? & Hlt'). exists r. repeat split; auto; [congruence|apply Hrp..].
  - destruct (so_right _ _ _ _ _ _ sc_ok x Hx) as (r & e & (Hr & Hov & He & Hs) & ->).
    right. unfold right_of, with_range in *; simpl in *. split.
    + unfold covers in *; simpl in *. rewrite He. simpl. lia.
    + destruct Hr as ([Hin ?]%Hsl & ? & _). exists r. repeat split; auto; [|apply Hp].
      pose proof (wf_ok rs Hwf r Hin). unfold covers in Hp; simpl in Hp.
      destruct (range r) as [? [|]], requested as [? [|]]; simplify_eq/=;
        unfold overlaps, end_after, start_before_end in Hov; simpl in *; to_prop; lia.
Qed.

Lemma new_records_complete p t :
  (covers requested p /\ lt = Some t)
  \/ (~ covers requested p /\ holds (fun r => In r rs) f o p t) ->
  holds new_records f o p t.
Proof.
  destruct merged_ok as [(Hmo & Hsub & Hh) Ht].
  assert (forall t', lt = Some t' -> new_records (mkLockRecord f o t' merged)) as Hrepl.
  { intros t' Hlt. right; right; left. unfold repl. by rewrite Hlt. }
  intros [[Hq Hlt]|[Hq (r & Hin & Hf & Ho & Hty & Hp)]].
  { eexists. split; [by apply Hrepl|]. simpl. eauto using subrange_covers. }
  destruct (should_remove o lt requested merged r) eqn:Hrem.
  2:{ exists r. split; [left; split; [done|]; intros [_ ?]; congruence|done]. }
  assert (In r sl) as Hr by (by apply Hsl).
  destruct (decide (lt = Some t)) as [Hlt|Hlt].
  { assert (same sl o lt r) as Hsm by (split; [done|split; [done|congruence]]).
    pose proof (removed_same r Hsm Hrem). eexists. split; [by apply Hrepl|].
    simpl. eauto using subrange_covers. }
  assert (other sl o lt r) as Hoth by (repeat split; [done..|congruence]).
  assert (overlaps (range r) requested = true) as Hov.
  { unfold should_remove in Hrem. rewrite bool_decide_eq_false_2 in Hrem by auto.
    destruct (overlaps _ _); [done|]. revert Hlt Hrem. case_eq lt; [|done].
    intros t' _ Hlt Hrem. to_prop. congruence. }
  destruct (decide (p < start requested)) as [Hl|Hl].
  - exists (left_of requested r). split.
    + right; left. apply left_complete. split; [done|]. split; [done|]. unfold covers in Hp. lia.
    + unfold left_of, with_range, covers in *; simpl in *. repeat split; auto. lia.
  - destruct (end_ requested) as [e|] eqn:He.
    2:{ exfalso. apply Hq. unfold covers. rewrite He. simpl. lia. }
    assert (e <= p) as Hep.
    { unfold covers in Hq. rewrite He in Hq. simpl in Hq. lia. }
    exists (right_of r e). split.
    + right; right; right. apply right_complete. repeat split; auto; [apply Hoth..|].
      unfold end_lt, covers in *. destruct (end_ (range r)) as [z|]; simpl in *; [|done].
      destruct (Z.compare_spec e z); try done; lia.
    + unfold right_of, with_range, covers in *; simpl in *. repeat split; auto. apply Hp.
Qed.

Lemma new_records_other x : new_records x -> file x <> f \/ owner x <> o -> In x rs.
Proof.
  intros [[? _]|[Hx|[Hx|Hx]]] Hne; [done|exfalso..].
  - destruct (so_left _ _ _ _ _ _ sc_ok x Hx) as (r & (([? ?]%Hsl & ? & _) & _) & ->).
    simpl in Hne. tauto.
  - destruct (repl_Some x Hx) as (t & _ & ->). simpl in Hne. tauto.
  - destruct (so_right _ _ _ _ _ _ sc_ok x Hx) as (r & e & (([? ?]%Hsl & ? & _) & _) & ->).
    simpl in Hne. tauto.
Qed.

(** The byte map after the commit. *)
Lemma new_records_holds f' o' p t :
  holds new_records f' o' p t <->
  if decide (f' = f /\ o' = o /\ covers requested p) then lt = Some t
  else holds (fun r => In r rs) f' o' p t.
Proof.
  destruct (decide (f' = f /\ o' = o)) as [[-> ->]|Hne].
  - transitivity ((covers requested p /\ lt = Some t)
      \/ (~ covers requested p /\ holds (fun r => In r rs) f o p t)).
    + split; [|apply new_records_complete].
      intros (x & Hx & ? & ? & <- & ?). by apply new_records_sound.
    + destruct (decide _) as [(_ & _ & ?)|Hn]; [tauto|].
      assert (~ covers requested p) by tauto. tauto.
  - rewrite decide_False by tauto. split.
    + intros (x & Hx & <- & <- & <- & ?). exists x. split; [|done].
      apply new_records_other; [done|]. destruct (decide (file x = f)); tauto.
    + intros (x & Hx & <- & <- & <- & ?). exists x. split; [|done]. left. split; [done|].
      intros [? Hrem]. unfold should_remove in Hrem. rewrite bool_decide_eq_true_2 in Hrem; [done|].
      tauto.
Qed.

(** *** The new records are canonical again *)

Lemma new_records_ok x : new_records x -> range_ok (range x).
Proof.
  intros [[? _]|[Hx|[Hx|Hx]]]; [by eapply wf_ok|..].
  - destruct (so_left _ _ _ _ _ _ sc_ok x Hx) as (r & (Hr & Hov & Hs) & ->).
    destruct Hr as (Hin & _). pose proof (sl_ok r Hin) as [? _].
    unfold range_ok; simpl. lia.
  - destruct (repl_Some x Hx) as (t & _ & ->). apply merged_ok.
  - destruct (so_right _ _ _ _ _ _ sc_ok x Hx) as (r & e & (Hr & Hov & He & Hs) & ->).
    destruct Hr as (Hin & _). pose proof (sl_ok r Hin).
    destruct requested as [? [|]]; simplify_eq/=. unfold range_ok, end_lt in *; simpl in *.
    destruct (end_ (range r)) as [z|]; simpl in *; [|lia].
    destruct (Z.compare_spec e z); try done; lia.
Qed.

(** A record of the caller that stays does not meet the request, nor the
    merged range when it has the requested type. *)
Lemma kept_spec x : In x rs -> file x = f -> owner x = o ->
  should_remove o lt requested merged x <> true ->
  overlaps (range x) requested = false
  /\ (lt = Some (lock_type x) -> touches_or_overlaps (range x) merged = false).
Proof.
  intros Hin Hf Ho Hn. unfold should_remove in Hn. rewrite bool_decide_eq_false_2 in Hn by auto.
  destruct (overlaps (range x) requested); [done|]. split; [done|].
  intros Hlt. rewrite Hlt, bool_decide_eq_true_2 in Hn by done. simpl in Hn.
  by destruct (touches_or_overlaps _ _).
Qed.

(** The byte sets of the pieces and of the kept records do not meet. *)
Lemma new_records_byte x y p : new_records x -> new_records y ->
  file x = f -> owner x = o -> file y = f -> owner y = o ->
  covers (range x) p -> covers (range y) p -> lock_type x = lock_type y.
Proof.
  intros Hx Hy Hfx Hox Hfy Hoy Hpx Hpy.
  destruct (new_records_sound x p) as [[? Hlx]|[Hqx Hhx]]; auto;
  destruct (new_records_sound y p) as [[? Hly]|[Hqy Hhy]]; auto; try done; [congruence|].
  eapply holds_unique; eauto.
Qed.

(** The pieces and the kept records, with what each contributes. *)
Inductive piece (x : LockRecord) : Prop :=
  | piece_kept : In x rs -> should_remove o lt requested merged x <> true -> piece x
  | piece_left r : cuts_left sl o lt requested r -> x = left_of requested r -> piece x
  | piece_repl t : lt = Some t -> x = mkLockRecord f o t merged -> piece x
  | piece_right r e : cuts_right sl o lt requested r e -> x = right_of r e -> piece x.

Lemma new_records_piece x : new_records x -> file x = f -> owner x = o -> piece x.
Proof.
  intros [[Hin Hn]|[Hx|[Hx|Hx]]] Hf Ho.
  - apply piece_kept; [done|]. tauto.
  - destruct (so_left _ _ _ _ _ _ sc_ok x Hx) as (r & ? & ->). by eapply piece_left.
  - destruct (repl_Some x Hx) as (t & ? & ->). by eapply piece_repl.
  - destruct (so_right _ _ _ _ _ _ sc_ok x Hx) as (r & e & ? & ->). by eapply piece_right.
Qed.

Lemma kept_touches x r : In x rs -> file x = f -> owner x = o ->
  should_remove o lt requested merged x <> true ->
  In r sl -> owner r = o -> overlaps (range r) requested = true ->
  lock_type x = lock_type r -> touches_or_overlaps (range x) (range r) = false.
Proof.
  intros Hin Hf Ho Hn Hr Hor Hov Ht. destruct (kept_spec x Hin Hf Ho Hn) as [Hno _].
  apply (sl_apart x r); auto; [by apply Hsl|]. intros ->. congruence.
Qed.

Lemma piece_touches x y : piece x -> piece y -> file x = f -> owner x = o ->
  file y = f -> owner y = o -> x <> y -> lock_type x = lock_type y ->
  touches_or_overlaps (range x) (range y) = false.
Proof.
  assert (forall z r, In z rs -> file z = f -> owner z = o ->
    should_remove o lt requested merged z <> true -> cuts_left sl o lt requested r ->
    lock_type z = lock_type r ->
    touches_or_overlaps (range z) (range (left_of requested r)) = false) as HKL.
  { intros z r Hz ? ? ? ((? & ? & ?) & ? & ?) ?. apply touches_left_cut; auto.
    - by eapply wf_ok. - by apply kept_touches. }
  assert (forall z r e, In z rs -> file z = f -> owner z = o ->
    should_remove o lt requested merged z <> true -> cuts_right sl o lt requested r e ->
    lock_type z = lock_type r ->
    touches_or_overlaps (range z) (range (right_of r e)) = false) as HKR.
  { intros z r e Hz ? ? ? ((? & ? & ?) & ? & ? & ?) ?.
    eapply (touches_right_cut _ (range r)); eauto using sl_ok; [by eapply wf_ok|by apply kept_touches]. }
  assert (forall r1 r2 e, cuts_left sl o lt requested r1 -> cuts_right sl o lt requested r2 e ->
    touches_or_overlaps (range (left_of requested r1)) (range (right_of r2 e)) = false) as HLR.
  { intros r1 r2 e _ (_ & _ & He & _). unfold touches_or_overlaps. simpl.
    destruct Hreq as [_ Hq]. rewrite He in Hq. simpl in Hq.
    destruct (end_ (range r2)); simpl; lia. }
  intros [Hin1 Hn1|r1 Hr1 ->|t1 Ht1 ->|r1 e1 Hr1 ->] [Hin2 Hn2|r2 Hr2 ->|t2 Ht2 ->|r2 e2 Hr2 ->]
    Hf1 Ho1 Hf2 Ho2 Hne Ht; simpl in Ht;
    try (by apply HKL); try (by apply HKR); try (by apply HLR);
    try (rewrite touches_sym; solve [by apply HKL | by apply HKR | by apply HLR]).
  - apply (wf_apart rs Hwf); congruence.
  - apply (kept_spec x); auto. congruence.
  - destruct Hne. f_equal. by apply (cuts_left_unique sl o lt requested sl_apart).
  - destruct Hr1 as ((_ & _ & Hl) & _). congruence.
  - rewrite touches_sym. apply (kept_spec y); auto. congruence.
  - destruct Hr2 as ((_ & _ & Hl) & _). congruence.
  - destruct Hne. congruence.
  - destruct Hr2 as ((_ & _ & Hl) & _). congruence.
  - destruct Hr1 as ((_ & _ & Hl) & _). congruence.
  - destruct Hne. by destruct (cuts_right_unique sl o lt requested sl_ok sl_apart r1 e1 r2 e2) as [-> ->].
Qed.

Lemma new_records_apart x y : new_records x -> new_records y -> file x = file y ->
  owner x = owner y -> x <> y -> apart x y.
Proof.
  intros Hx Hy Hf Ho Hne. destruct (decide (file x = f /\ owner x = o)) as [[Hfx Hox]|Hd].
  2:{ assert (file x <> f \/ owner x <> o) by (destruct (decide (file x = f)); tauto).
      apply (wf_apart rs Hwf); auto; apply new_records_other; auto; rewrite <- ?Hf, <- ?Ho; auto. }
  assert (lock_type x = lock_type y -> touches_or_overlaps (range x) (range y) = false) as Ht.
  { apply piece_touches; auto; try congruence; apply new_records_piece; auto; congruence. }
  split; [|done]. destruct (overlaps (range x) (range y)) eqn:E; [|done].
  pose proof (overlaps_touches _ _ E). apply overlaps_byte in E as (p & ? & ?);
    auto using new_records_ok.
  rewrite Ht in *; [done|]. eapply new_records_byte; eauto; congruence.
Qed.

(** Without a blocking record, conflicting owners stay disjoint. *)
Lemma new_records_excl x y :
  (forall t, lt = Some t -> existsb (blocks o t requested) sl = false) ->
  new_records x -> new_records y -> file x = file y -> owner x <> owner y ->
  conflicts_in_namespace (owner x) (owner y) = true ->
  overlaps (range x) (range y) = true -> lock_type x = Read /\ lock_type y = Read.
Proof.
  intros Hnb.
  assert (forall x y, new_records x -> new_records y -> file x = file y -> owner x <> owner y ->
    conflicts_in_namespace (owner x) (owner y) = true ->
    overlaps (range x) (range y) = true -> owner y <> o -> 
    lock_type x = Read /\ lock_type y = Read) as Hhalf.
  { clear x y. intros x y Hx Hy Hf Ho Hc Hov Hoy.
    assert (In y rs) as Hyin by (apply new_records_other; auto).
    apply overlaps_byte in Hov as (p & Hpx & Hpy); auto using new_records_ok.
    assert (holds new_records (file x) (owner x) p (lock_type x)) as Hh by (exists x; auto).
    apply new_records_holds in Hh. destruct (decide _) as [(Hfx & Hox & Hq)|_].
    - assert (blocks o (lock_type x) requested y = false) as Hb.
      { specialize (Hnb _ Hh). destruct (blocks o (lock_type x) requested y) eqn:E; [|done].
        rewrite <- Hnb. symmetry. apply existsb_exists. exists y. split; [|done].
        apply Hsl. split; [done|congruence]. }
      unfold blocks in Hb. rewrite bool_decide_eq_true_2 in Hb by auto.
      assert (conflicts_in_namespace (owner y) o = true) as Hc'.
      { unfold conflicts_in_namespace in *. rewrite Hox in Hc. by destruct (is_flock o), (is_flock (owner y)). }
      rewrite Hc' in Hb. rewrite (proj2 (overlaps_byte _ _ (wf_ok rs Hwf y Hyin) Hreq)) in Hb by eauto.
      simpl in Hb. to_prop. by destruct (lock_type x), (lock_type y).
    - destruct Hh as (r & Hr & Hrf & Hro & <- & Hrp).
      apply (wf_excl rs Hwf r y); auto; try congruence.
      apply overlaps_byte; eauto using wf_ok. }
  intros Hx Hy Hf Ho Hc Hov. destruct (decide (owner y = o)) as [Hoy|Hoy]; [|by apply Hhalf].
  rewrite overlaps_sym in Hov. destruct (Hhalf y x); auto; try congruence.
  unfold conflicts_in_namespace in *. by destruct (is_flock (owner x)), (is_flock (owner y)).
Qed.

Lemma left_removed x : left_fragment sc = Some x ->
  exists r, In r sl /\ should_remove o lt requested merged r = true.
Proof.
  intros Hx. destruct (so_left _ _ _ _ _ _ sc_ok x Hx) as (r & ((? & ? & _) & Hov & _) & _).
  exists r. split; [done|]. unfold should_remove. by rewrite bool_decide_eq_false_2, Hov by auto.
Qed.

Lemma right_removed x : right_fragment sc = Some x ->
  exists r, In r sl /\ should_remove o lt requested merged r = true.
Proof.
  intros Hx. destruct (so_right _ _ _ _ _ _ sc_ok x Hx) as (r & e & ((? & ? & _) & Hov & _) & _).
  exists r. split; [done|]. unfold should_remove. by rewrite bool_decide_eq_false_2, Hov by auto.
Qed.

(** No piece is already among the kept records, and the pieces differ. *)
Lemma left_fresh x : left_fragment sc = Some x ->
  ~ (In x rs /\ ~ (file x = f /\ should_remove o lt requested merged x = true)).
Proof.
  intros Hx [Hin Hn]. destruct (so_left _ _ _ _ _ _ sc_ok x Hx) as (r & Hr & ->).
  pose proof Hr as ((Hrin & Ho & _) & Hov & Hs).
  assert (file r = f) as Hf by (by apply Hsl).
  assert (should_remove o lt requested merged (left_of requested r) <> true) as Hn'
    by (intros ?; apply Hn; auto).
  pose proof (kept_touches (left_of requested r) r Hin Hf Ho Hn' Hrin Ho Hov eq_refl) as Ht.
  pose proof (sl_ok r Hrin). unfold touches_or_overlaps, left_of, range_ok in *; simpl in *.
  destruct (end_ (range r)); simpl in *; lia.
Qed.

Lemma right_fresh x : right_fragment sc = Some x ->
  ~ (In x rs /\ ~ (file x = f /\ should_remove o lt requested merged x = true)).
Proof.
  intros Hx [Hin Hn]. destruct (so_right _ _ _ _ _ _ sc_ok x Hx) as (r & e & Hr & ->).
  pose proof Hr as ((Hrin & Ho & _) & Hov & He & Hs).
  assert (file r = f) as Hf by (by apply Hsl).
  assert (should_remove o lt requested merged (right_of r e) <> true) as Hn'
    by (intros ?; apply Hn; auto).
  pose proof (kept_touches (right_of r e) r Hin Hf Ho Hn' Hrin Ho Hov eq_refl) as Ht.
  pose proof (sl_ok r Hrin). unfold touches_or_overlaps, right_of, range_ok in *; simpl in *.
  unfold overlaps, start_before_end, end_after, end_lt in *. rewrite He in *.
  destruct (end_ (range r)) as [z|]; simpl in *; to_prop; [|lia].
  destruct (Z.compare_spec e z); try done; lia.
Qed.

Lemma repl_fresh x : repl = Some x ->
  ~ (In x rs /\ ~ (file x = f /\ should_remove o lt requested merged x = true)).
Proof.
  intros Hx [Hin Hn]. destruct (repl_Some x Hx) as (t & Hlt & ->).
  destruct (kept_spec _ Hin eq_refl eq_refl) as [_ Ht]; [by intros ?; apply Hn|]. specialize (Ht Hlt). simpl in Ht.
  unfold touches_or_overlaps in Ht. destruct merged_ok as [([_ Hm] & _) _].
  destruct (end_ merged); simpl in *; lia.
Qed.

Lemma pieces_distinct x y :
  (left_fragment sc = Some x -> repl = Some y -> x <> y)
  /\ (left_fragment sc = Some x -> right_fragment sc = Some y -> x <> y)
  /\ (repl = Some x -> right_fragment sc = Some y -> x <> y).
Proof.
  split; [|split].
  - intros Hx Hy ->. destruct (so_left _ _ _ _ _ _ sc_ok y Hx) as (r & ((_ & _ & ?) & _) & ->).
    destruct (repl_Some _ Hy) as (t & ? & Heq). unfold left_of, with_range in Heq. congruence.
  - intros Hx Hy ->. destruct (so_left _ _ _ _ _ _ sc_ok y Hx) as (r & (_ & _ & Hs) & ->).
    destruct (so_right _ _ _ _ _ _ sc_ok _ Hy) as (r' & e & (_ & _ & He & _) & Heq).
    unfold left_of, right_of, with_range in Heq. injection Heq as _ _ _ Heq _.
    destruct Hreq as [_ Hq]. rewrite He in Hq. simpl in Hq. lia.
  - intros Hy Hx ->. destruct (so_right _ _ _ _ _ _ sc_ok y Hx) as (r & e & ((_ & _ & ?) & _) & ->).
    destruct (repl_Some _ Hy) as (t & ? & Heq). unfold right_of, with_range in Heq. congruence.
Qed.
End Commit.

(** ** [set_lock] *)

Lemma filter_nil_iff {A} (p : A -> bool) l :
  lenZ (List.filter p l) = 0 <-> forall x, In x l -> p x = false.
Proof.
  induction l as [|y l IH]; simpl; [split; [done|lia]|].
  destruct (p y) eqn:Hy; simpl; split.
  - lia.
  - intros H. rewrite H in Hy by auto. done.
  - intros H x [<-|Hx]; [done|]. by apply IH.
  - intros H. apply IH. auto.
Qed.

Lemma filter_one_find {A} (p : A -> bool) l x : lenZ (List.filter p l) = 1 ->
  List.find p l = Some x -> forall y, In y l -> p y = true -> y = x.
Proof.
  induction l as [|z l IH]; simpl; [done|]. destruct (p z) eqn:Hz; simpl.
  - intros Hl [= ->] y [<-|Hy] Hp; [done|].
    rewrite (proj1 (filter_nil_iff p l)) in Hp by (auto; lia). done.
  - intros Hl Hf y [<-|Hy] Hp; [congruence|auto].
Qed.

Lemma filter_partition_len {A} (p : A -> bool) l :
  (length (List.filter p l) + length (List.filter (fun x => negb (p x)) l) = length l)%nat.
Proof. induction l as [|x l IH]; simpl; [done|]. destruct (p x); simpl; lia. Qed.

Section SetLock.
Variable try_reserve_exact : forall (len capacity additional : Z), option Z.

Lemma ensure_capacity_records m n : records (fst (ensure_capacity try_reserve_exact m n)) = records m.
Proof. unfold ensure_capacity. by repeat case_match. Qed.

(** Every error leaves the manager's records untouched. *)
Lemma set_lock_err m f o lt rg m' e :
  set_lock try_reserve_exact m f o lt rg = (m', Err e) -> records m' = records m.
Proof.
  unfold set_lock. destruct (file_bounds m f) as [s en].
  pose proof (fun n => ensure_capacity_records m n) as Hcap.
  intros H. repeat first [case_match | progress simplify_eq/=]; try done;
    match goal with H : ensure_capacity _ m ?n = _ |- _ => specialize (Hcap n); by rewrite H in Hcap end.
Qed.

(** The slice of a well-formed manager holds the records of the file. *)
Lemma slice_spec m f s e : wf (records m) -> file_bounds m f = (s, e) ->
  forall r, In r (slice s e (records m)) <-> In r (records m) /\ file r = f.
Proof.
  intros Hwf Hb r. destruct (file_bounds_block m f s e) as (pre & sl & post & Hfb & ->); auto.
  { apply Hwf. }
  destruct Hfb as [-> _ _ Hpre Hin Hpost]. rewrite !in_app_iff. split.
  - intros H. auto.
  - intros [[H|[H|H]] Hf]; auto; exfalso; [by eapply Hpre|by eapply Hpost].
Qed.

(** A successful request leaves exactly the records of the commit, sorted,
    within the machine's limit. *)
Lemma set_lock_ok m f o lt rg m' mu : wf (records m) -> range_ok rg ->
  set_lock try_reserve_exact m f o lt rg = (m', Ok mu) ->
  exists sl, (forall r, In r sl <-> In r (records m) /\ file r = f)
    /\ (forall t, lt = Some t -> existsb (blocks o t rg) sl = false)
    /\ (forall x, In x (records m') <-> new_records (records m) f o lt rg sl x)
    /\ sorted (records m') /\ lenZ (records m') <= MAX_ADVISORY_LOCK_RECORDS.
Proof.
  intros Hwf Hrg. unfold set_lock. destruct (file_bounds m f) as [s e] eqn:Hb.
  pose proof (slice_spec m f s e Hwf Hb) as Hsl.
  destruct (file_bounds_block m f s e) as (pre & sl & post & Hfb & Heq); [apply Hwf|done|].
  rewrite Heq in *. clear Heq.
  intros H. exists sl. split; [done|].
  set (sc := scan o lt rg sl) in *. set (merged := coalesce o lt sl (merged_request sc)) in *.
  set (rm := should_remove o lt rg merged) in *.
  split. { intros t ->. by destruct (existsb _ sl). }
  destruct (match lt with Some t => _ | None => _ end); [done|].
  assert (forall x, In x sl -> rm x = false -> ~ (file x = f /\ rm x = true)) as Hkeep
    by (intros x _ Hx [_ Hy]; congruence).
  destruct (_ && bool_decide (lt = None)) eqn:E1.
  { injection H as <- <-. to_prop. subst lt. split; [|split; apply Hwf].
    intros x. pose proof (proj1 (filter_nil_iff rm sl) ltac:(done)) as Hnone. split.
    - intros Hx. left. split; [done|]. intros [Hf Hr]. rewrite Hnone in Hr by (by apply Hsl). done.
    - intros [[? _]|[Hx|[Hx|Hx]]]; [done| |done|]; exfalso.
      + destruct (left_removed (records m) f o None rg sl Hwf Hrg Hsl x Hx) as (r & Hr & Hrem).
        rewrite Hnone in Hrem by done. done.
      + destruct (right_removed (records m) f o None rg sl Hwf Hrg Hsl x Hx) as (r & Hr & Hrem).
        rewrite Hnone in Hrem by done. done. }
  set (repl := option_map _ lt) in *.
  destruct (_ && _ && _ && _ && _ && _) eqn:E2.
  { clear E1. injection H as <- <-. to_prop. split; [|split; apply Hwf].
    intros x. split.
    - intros Hx. destruct (decide (file x = f /\ rm x = true)) as [[Hf Hr]|Hn]; [|by left].
      right; right; left. fold sc merged repl. destruct repl as [y|]; [|done].
      f_equal. symmetry. eapply filter_one_find; eauto. by apply Hsl.
    - intros [[? _]|[Hx|[Hx|Hx]]]; [done|fold sc merged repl in Hx..]; try congruence.
      fold sc merged repl in Hx. rewrite Hx in *.
      match goal with H : List.find _ _ = Some _ |- _ => apply find_some in H as [Hin _] end.
      by apply Hsl. }
  clear E1 E2. 
  unfold ok_or, checked_sub, checked_add in H.
  destruct (_ <=? lenZ (records m)) eqn:E3; [|done].
  destruct (_ <=? u32_max) eqn:E4; [|done].
  destruct (MAX_ADVISORY_LOCK_RECORDS <? _) eqn:E5; [done|]. to_prop.
  destruct (ensure_capacity _ m _) as [m1 res] eqn:Hcap.
  match type of Hcap with ensure_capacity _ _ ?n = _ =>
    pose proof (ensure_capacity_records m n) as Hm1; rewrite Hcap in Hm1; simpl in Hm1 end.
  destruct res as [|er]; [|done]. rewrite Hm1 in H.
  rewrite (compact_slice_filter rm s e _ f pre sl post Hfb) in H. injection H as <- <-. simpl.
  set (kept := pre ++ List.filter (fun x => negb (rm x)) sl ++ post).
  assert (forall x, In x kept <-> In x (records m) /\ ~ (file x = f /\ rm x = true)) as Hkept.
  { intros x. unfold kept. destruct Hfb as [-> _ _ Hpre Hin Hpost].
    rewrite !in_app_iff, filter_In. split.
    - intros [Hx|[[Hx Hr]|Hx]]; split; auto; intros [? ?]; [by eapply Hpre| |by eapply Hpost].
      by destruct (rm x).
    - intros [[Hx|[Hx|Hx]] Hr]; auto. right; left. split; [done|].
      destruct (rm x) eqn:?; [exfalso; apply Hr; auto|done]. }
  split.
  { intros x. rewrite !in_insert_opt, Hkept. unfold new_records. fold sc merged repl rm. tauto. }
  pose proof (pieces_distinct (records m) f o lt rg sl Hwf Hrg Hsl) as Hd.
  fold sc merged repl in Hd. split.
  - assert (sorted kept) as Hks.
    { pose proof (wf_sorted _ Hwf) as Hs. unfold kept. destruct Hfb as [Hrs _ _ _ _ _].
      rewrite Hrs in Hs. apply sorted_app_inv in Hs as (S1 & S2 & S3).
      apply sorted_app_inv in S2 as (S2 & S4 & S5).
      repeat apply sorted_app; auto using sorted_filter;
        intros x y Hx; rewrite ?in_app_iff; rewrite ?filter_In in *; intros Hy;
        first [apply S5; tauto | apply S3; [tauto|]; rewrite in_app_iff; tauto]. }
    apply insert_pieces_sorted; [done| |done]. intros x Hx. rewrite Hkept.
    destruct Hx as [Hx|[Hx|Hx]].
    + exact (left_fresh (records m) f o lt rg sl Hwf Hrg Hsl x Hx).
    + exact (repl_fresh (records m) f o lt rg sl Hwf Hrg Hsl x Hx).
    + exact (right_fresh (records m) f o lt rg sl Hwf Hrg Hsl x Hx).
  - rewrite !length_insert_opt. unfold kept. rewrite !length_app.
    destruct Hfb as [Hrs _ _ _ _ _]. rewrite Hrs, !length_app in *.
    pose proof (filter_partition_len rm sl).
    assert (opt_count repl = opt_count lt) by (unfold repl; by destruct lt). lia.
Qed.

(** The invariant of the manager is preserved by every request. *)
Lemma set_lock_wf m f o lt rg m' res : wf (records m) -> range_ok rg ->
  set_lock try_reserve_exact m f o lt rg = (m', res) -> wf (records m').
Proof.
  intros Hwf Hrg H. destruct res as [mu|e]; [|by rewrite (set_lock_err _ _ _ _ _ _ _ H)].
  destruct (set_lock_ok _ _ _ _ _ _ _ Hwf Hrg H) as (sl & Hsl & Hnb & Hin & Hs & Hl).
  split; auto.
  - intros r Hr%Hin. by eapply new_records_ok.
  - intros r1 r2 H1%Hin H2%Hin. by apply (new_records_apart (records m) f o lt rg sl).
  - intros r1 r2 H1%Hin H2%Hin. by apply (new_records_excl (records m) f o lt rg sl).
Qed.
End SetLock.

(** ** Removal *)

Lemma wf_filter p rs : wf rs -> wf (List.filter p rs).
Proof.
  intros [H1 H2 H3 H4 H5]. split.
  - by apply sorted_filter.
  - intros r [? _]%filter_In. auto.
  - intros r1 r2 [? _]%filter_In [? _]%filter_In. auto.
  - intros r1 r2 [? _]%filter_In [? _]%filter_In. auto.
  - pose proof (filter_length_le p rs). lia.
Qed.

Lemma filter_all {A} (p : A -> bool) l : (forall x, In x l -> p x = true) -> List.filter p l = l.
Proof.
  induction l as [|x l IH]; intros H; simpl; [done|].
  rewrite H by auto with kandelo. f_equal. auto with kandelo.
Qed.

(** The compaction loop of [remove_file_owner] is a filter of the vector. *)
Lemma remove_file_owner_filter m f o : wf (records m) ->
  records (fst (remove_file_owner m f o))
  = List.filter (fun r => negb (bool_decide (file r = f /\ owner r = o))) (records m).
Proof.
  intros Hwf. unfold remove_file_owner. destruct (file_bounds m f) as [s e] eqn:Hb.
  destruct (file_bounds_block m f s e) as (pre & sl & post & Hfb & _); [apply Hwf|done|].
  rewrite (compact_slice_filter _ s e _ f pre sl post Hfb). simpl.
  destruct Hfb as [-> _ _ Hpre Hin Hpost]. rewrite !List.filter_app. f_equal; [|f_equal].
  - symmetry. apply filter_all. intros x Hx. apply negb_true_iff, bool_decide_eq_false_2.
    intros [? _]. by eapply Hpre.
  - apply filter_ext_in. intros x Hx. f_equal. apply bool_decide_ext. specialize (Hin x Hx). tauto.
  - symmetry. apply filter_all. intros x Hx. apply negb_true_iff, bool_decide_eq_false_2.
    intros [? _]. by eapply Hpost.
Qed.

(** Filtering the records erases the bytes of the dropped owners. *)
Lemma held_filter p rs f o b :
  (forall r1 r2, file r1 = file r2 -> owner r1 = owner r2 -> p r1 = p r2) ->
  held (List.filter p rs) f o b
  = if p (mkLockRecord f o Read (mkLockRange 0 Eof)) then held rs f o b else None.
Proof.
  intros Hp. unfold held. set (q := fun r => _ && _ && _). set (r0 := mkLockRecord f o _ _).
  induction rs as [|r rs IH]; simpl; [by destruct (p r0)|].
  destruct (q r) eqn:Hq.
  - assert (p r = p r0) as Hr by (unfold q in Hq; to_prop; by apply Hp).
    rewrite Hr. destruct (p r0); simpl; [by rewrite Hq|exact IH].
  - destruct (p r); simpl; rewrite ?Hq; exact IH.
Qed.

(** ** Reachable states *)

(** One operation of the manager. *)
Inductive lock_step : AdvisoryLockManager -> AdvisoryLockManager -> Prop :=
  | step_set_lock alloc m f o lt s l rg m' res :
      normalize s l = Ok rg -> set_lock alloc m f o lt rg = (m', res) -> lock_step m m'
  | step_remove_file_owner m f o : lock_step m (fst (remove_file_owner m f o))
  | step_remove_process m pid : lock_step m (fst (remove_process m pid))
  | step_remove_ofd m id : lock_step m (fst (remove_ofd m id))
  | step_remove_dead m live : lock_step m (fst (remove_dead_ofd_owners m live)).

Definition reachable (m : AdvisoryLockManager) : Prop := rtc lock_step new m.

Lemma lock_wf_new : wf (records new).
Proof. by split; simpl; try done; try constructor. Qed.

Lemma lock_step_wf m m' : lock_step m m' -> wf (records m) -> wf (records m').
Proof.
  intros H Hwf. destruct H as [alloc m f o lt s l rg m' res Hn Hs|m f o|m pid|m id|m live].
  - eapply set_lock_wf; eauto. by apply normalize_ok_spec in Hn as [? _].
  - rewrite remove_file_owner_filter by done. by apply wf_filter.
  - by apply wf_filter.
  - by apply wf_filter.
  - by apply wf_filter.
Qed.

Lemma reachable_wf m : reachable m -> wf (records m).
Proof.
  intros H. unfold reachable in H. assert (wf (records new)) as Hn by apply lock_wf_new.
  revert Hn. induction H; eauto using lock_step_wf.
Qed.
#[export] Hint Resolve lock_wf_new reachable_wf : kandelo.

Lemma scan_type_changed o t rg l acc :
  type_changed (fold_left (scan_record o (Some t) rg) l acc)
  = type_changed acc || existsb (fun r => bool_decide (owner r = o)
      && overlaps (range r) rg && bool_decide (lock_type r <> t)) l.
Proof.
  revert acc. induction l as [|r l IH]; intros acc; simpl; [by rewrite orb_false_r|].
  rewrite IH. unfold scan_record.
  assert (forall a, type_changed (scan_right (Some t) rg r (scan_left (Some t) rg r a)) = type_changed a) as Hsr.
  { intros a. unfold scan_right, scan_left. by repeat case_match. }
  destruct (decide (owner r = o)); [|by rewrite bool_decide_eq_true_2, bool_decide_eq_false_2].
  rewrite (bool_decide_eq_false_2 (owner r <> o)), (bool_decide_eq_true_2 (owner r = o)) by auto.
  destruct (overlaps (range r) rg); simpl; [|done]. by rewrite Hsr, orb_assoc.
Qed.

Lemma set_lock_held alloc m f o lt rg m' mu :
  wf (records m) -> range_ok rg ->
  set_lock alloc m f o lt rg = (m', Ok mu) ->
  forall f' o' p, held (records m') f' o' p
    = if decide (f' = f /\ o' = o /\ covers rg p) then lt else held (records m) f' o' p.
Proof.
  intros Hwf Hrg H f' o' p.
  pose proof (set_lock_wf _ _ _ _ _ _ _ _ Hwf Hrg H) as Hwf'.
  destruct (set_lock_ok _ _ _ _ _ _ _ _ Hwf Hrg H) as (sl & Hsl & _ & Hin & _ & _).
  apply option_eq_by. intros t. rewrite held_Some by done.
  transitivity (holds (new_records (records m) f o lt rg sl) f' o' p t).
  { unfold holds. setoid_rewrite Hin. done. }
  rewrite new_records_holds by done. case_decide; [done|]. by rewrite held_Some.
Qed.

(** ** Theorems *)

(** C1. Refinement. On success [set_lock] is the pointwise update of the byte
    map: the requested bytes of the calling owner on the file get the
    requested lock type (none, on unlock), every other byte, owner and file is
    unchanged, whatever splitting and coalescing the records went through. *)
Theorem set_lock_refines_byte_map alloc m f o lt rg m' mu :
  wf (records m) -> range_ok rg ->
  set_lock alloc m f o lt rg = (m', Ok mu) ->
  forall f' o' p, held (records m') f' o' p
    = if decide (f' = f /\ o' = o /\ covers rg p) then lt else held (records m) f' o' p.
Proof. apply set_lock_held. Qed.

(** Two records on one file, the state after two requests. *)
Definition witness_alloc (len capacity additional : Z) : option Z := Some (len + additional).
Definition witness_file : FileId := Host 1 7.
Definition witness_m1 : AdvisoryLockManager :=
  fst (set_lock witness_alloc new witness_file (Process 3) (Some Write) (mkLockRange 0 (Offset 10))).

Lemma witness_m1_wf : wf (records witness_m1).
Proof. by eapply set_lock_wf; [apply lock_wf_new| |apply surjective_pairing]. Qed.

Lemma set_lock_refines_byte_map_witness :
  held (records (fst (set_lock witness_alloc witness_m1 witness_file (Process 3) (Some Read)
                        (mkLockRange 4 (Offset 6))))) witness_file (Process 3) 5 = Some Read
  /\ held (records (fst (set_lock witness_alloc witness_m1 witness_file (Process 3) (Some Read)
                        (mkLockRange 4 (Offset 6))))) witness_file (Process 3) 8 = Some Write.
Proof.
  split.
  - rewrite (set_lock_refines_byte_map witness_alloc witness_m1 witness_file (Process 3)
      (Some Read) (mkLockRange 4 (Offset 6)) _ (mkLockMutation true true)
      witness_m1_wf ltac:(by split) ltac:(reflexivity)).
    reflexivity.
  - rewrite (set_lock_refines_byte_map witness_alloc witness_m1 witness_file (Process 3)
      (Some Read) (mkLockRange 4 (Offset 6)) _ (mkLockMutation true true)
      witness_m1_wf ltac:(by split) ltac:(reflexivity)).
    reflexivity.
Defined.

(** Invariant. In every state reachable from the empty manager through
    requests on normalised ranges and removals, the vector is strictly sorted,
    one owner's records on a file are disjoint and coalesced, and there are at
    most [MAX_ADVISORY_LOCK_RECORDS] of them. *)
Theorem reachable_locks_canonical m : reachable m -> wf (records m).
Proof. apply reachable_wf. Qed.

Lemma reachable_locks_canonical_witness : wf (records witness_m1).
Proof.
  apply reachable_locks_canonical. apply rtc_once.
  eapply (step_set_lock witness_alloc _ witness_file (Process 3) (Some Write) 0 10);
    [reflexivity|apply surjective_pairing].
Defined.

(** C20. Safety. In every reachable state, two different owners of one
    namespace (POSIX and OFD locks, or flock) never hold locks on one byte
    unless both are read locks. *)
Theorem reachable_locks_exclusive m f p o1 o2 t1 t2 : reachable m ->
  held (records m) f o1 p = Some t1 -> held (records m) f o2 p = Some t2 ->
  o1 <> o2 -> conflicts_in_namespace o1 o2 = true -> t1 = Read /\ t2 = Read.
Proof.
  intros Hr H1 H2 Hne Hc. pose proof (reachable_wf m Hr) as Hwf.
  apply held_Some in H1 as (r1 & Hi1 & Hf1 & Ho1 & <- & Hp1); [|done].
  apply held_Some in H2 as (r2 & Hi2 & Hf2 & Ho2 & <- & Hp2); [|done].
  apply (wf_excl _ Hwf r1 r2); auto; try congruence.
  apply overlaps_byte; eauto using wf_ok.
Qed.

(** Two readers of one file. *)
Definition witness_m2 : AdvisoryLockManager :=
  fst (set_lock witness_alloc
    (fst (set_lock witness_alloc new witness_file (Process 3) (Some Read) (mkLockRange 0 Eof)))
    witness_file (Process 4) (Some Read) (mkLockRange 2 (Offset 9))).

Lemma reachable_locks_exclusive_witness :
  held (records witness_m2) witness_file (Process 3) 5 = Some Read /\ held (records witness_m2) witness_file (Process 4) 5 = Some Read.
Proof.
  destruct (held (records witness_m2) witness_file (Process 3) 5) as [t1|] eqn:E1; [|vm_compute in E1; discriminate].
  destruct (held (records witness_m2) witness_file (Process 4) 5) as [t2|] eqn:E2; [|vm_compute in E2; discriminate].
  destruct (reachable_locks_exclusive witness_m2 witness_file 5 (Process 3) (Process 4) t1 t2) as [-> ->];
    [|exact E1|exact E2|discriminate|reflexivity|split; reflexivity].
  eapply rtc_l; [|apply rtc_once].
  - eapply (step_set_lock witness_alloc _ witness_file (Process 3) (Some Read) 0 0);
      [reflexivity|apply surjective_pairing].
  - eapply (step_set_lock witness_alloc _ witness_file (Process 4) (Some Read) 2 7);
      [reflexivity|apply surjective_pairing].
Defined.

Lemma file_slice_spec m f : wf (records m) ->
  forall r, In r (file_slice m f) <-> In r (records m) /\ file r = f.
Proof.
  intros Hwf. unfold file_slice. destruct (file_bounds m f) as [s e] eqn:E.
  by apply slice_spec.
Qed.

Lemma find_blocks_existsb {A} (p : A -> bool) l : List.find p l <> None <-> existsb p l = true.
Proof.
  rewrite existsb_exists. split.
  - destruct (List.find p l) as [x|] eqn:E; [|done]. apply find_some in E. eauto.
  - intros (x & Hx & Hp) Hn. by rewrite (find_none p l Hn x Hx) in Hp.
Qed.

(** Conflict detection. A lock request fails with EAGAIN exactly when
    [get_blocking_lock] names a blocker, and that is exactly when another
    owner of the namespace holds a byte of the range and one of the two locks
    is a write lock. *)
Theorem set_lock_eagain_iff_conflict alloc m f o t rg : wf (records m) -> range_ok rg ->
  (snd (set_lock alloc m f o (Some t) rg) = Err EAGAIN <-> get_blocking_lock m f o t rg <> None)
  /\ (get_blocking_lock m f o t rg <> None <->
      exists o' p t', held (records m) f o' p = Some t' /\ o' <> o
        /\ conflicts_in_namespace o' o = true /\ covers rg p /\ (t' = Write \/ t = Write)).
Proof.
  intros Hwf Hrg. unfold get_blocking_lock. rewrite find_blocks_existsb. split.
  - unfold set_lock, file_slice. destruct (file_bounds m f) as [s e].
    destruct (existsb _ _) eqn:E; [done|]. split; [|done]. simpl. intros H. exfalso.
    unfold ok_or, ensure_capacity in H. repeat case_match; simplify_eq/=.
  - rewrite existsb_exists. split.
    + intros (r & [Hin Hf]%file_slice_spec & Hb); [|done]. unfold blocks in Hb. to_prop.
      match goal with H : overlaps _ _ = true |- _ =>
        apply overlaps_byte in H as (p & Hp1 & Hp2); [|by eapply wf_ok|done] end.
      exists (owner r), p, (lock_type r). repeat split; auto; try apply Hp2.
      * apply held_Some; [done|]. exists r. auto.
      * match goal with H : _ \/ _ |- _ => destruct H; to_prop; auto end.
    + intros (o' & p & t' & Hh & Hne & Hc & Hp & Hw).
      apply held_Some in Hh as (r & Hin & Hf & <- & <- & Hrp); [|done].
      exists r. split; [by apply file_slice_spec|]. unfold blocks.
      rewrite bool_decide_eq_true_2 by done. rewrite Hc.
      rewrite (proj2 (overlaps_byte _ _ (wf_ok _ Hwf r Hin) Hrg)) by eauto. simpl.
      destruct Hw as [Hw|Hw]; rewrite (bool_decide_eq_true_2 _ Hw); [done|by rewrite orb_true_r].
Qed.

Lemma set_lock_eagain_iff_conflict_witness :
  get_blocking_lock witness_m1 witness_file (Process 4) Read (mkLockRange 9 Eof) <> None
  /\ snd (set_lock witness_alloc witness_m1 witness_file (Process 4) (Some Read)
            (mkLockRange 9 Eof)) = Err EAGAIN.
Proof.
  destruct (set_lock_eagain_iff_conflict witness_alloc witness_m1 witness_file (Process 4) Read
    (mkLockRange 9 Eof) witness_m1_wf ltac:(by split)) as [H1 _].
  split; [vm_compute; discriminate|]. apply H1. vm_compute. discriminate.
Defined.

(** Failure atomicity. A request that fails leaves the record vector as it
    was, the error is EAGAIN or ENOLCK, and an unlock never reports a
    conflict. *)
Theorem set_lock_error_atomic alloc m f o lt rg m' e :
  set_lock alloc m f o lt rg = (m', Err e) ->
  records m' = records m /\ (e = EAGAIN \/ e = ENOLCK) /\ (lt = None -> e = ENOLCK).
Proof.
  intros H. split; [by eapply set_lock_err|]. revert H.
  unfold set_lock, ok_or, ensure_capacity. destruct (file_bounds m f) as [s en].
  intros H. repeat case_match; simplify_eq/=; auto; by split; [left|].
Qed.

Lemma set_lock_error_atomic_witness :
  records witness_m1 = records witness_m1 /\ (ENOLCK = EAGAIN \/ ENOLCK = ENOLCK)
  /\ (@None AdvisoryLockType = None -> ENOLCK = ENOLCK).
Proof.
  apply (set_lock_error_atomic (fun _ _ _ => None)
    (mkManager (records witness_m1) 1) witness_file (Process 3) None (mkLockRange 4 (Offset 6))
    (mkManager (records witness_m1) 1) ENOLCK).
  vm_compute. reflexivity.
Defined.

(** No lost wakeup. When a request weakens the caller's lock on some byte,
    so that another owner may now be admitted there, the result tells the
    kernel to retry the parked waiters. *)
Theorem set_lock_reports_unblock alloc m f o lt rg m' mu p t :
  wf (records m) -> range_ok rg ->
  set_lock alloc m f o lt rg = (m', Ok mu) ->
  held (records m) f o p = Some t -> held (records m') f o p <> Some t ->
  may_unblock mu = true.
Proof.
  intros Hwf Hrg H Hold Hnew.
  pose proof (set_lock_held _ _ _ _ _ _ _ _ Hwf Hrg H f o p) as Href.
  destruct (decide _) as [(_ & _ & Hp)|Hn] in Href; [|congruence].
  assert (lt <> Some t) as Hlt by congruence. clear Href.
  apply held_Some in Hold as (r & Hin & Hf & Ho & Ht & Hrp); [|done].
  assert (overlaps (range r) rg = true) as Hov by (apply overlaps_byte; eauto using wf_ok).
  unfold set_lock in H. destruct (file_bounds m f) as [s e] eqn:Hb.
  set (sl := slice s e (records m)) in *.
  assert (In r sl) as Hrs by (eapply slice_spec; eauto).
  assert (forall mg, should_remove o lt rg mg r = true) as Hrm.
  { intros mg. unfold should_remove. by rewrite bool_decide_eq_false_2, Hov by auto. }
  assert (forall mg, lenZ (List.filter (should_remove o lt rg mg) sl) <> 0) as Hcnt.
  { intros mg Hz. specialize (Hrm mg). by rewrite (proj1 (filter_nil_iff _ _) Hz r) in Hrm. }
  destruct (match lt with Some t => _ | None => _ end); [done|].
  set (mg := coalesce o lt sl _) in H.
  destruct (_ && bool_decide (lt = None)) eqn:E1.
  { to_prop. by destruct (Hcnt mg). }
  destruct (_ && _ && _ && _ && _ && _) eqn:E2.
  { to_prop. destruct (List.find _ sl) as [y|] eqn:Ef; [|congruence]. exfalso. apply Hlt.
    assert (r = y) as -> by (eapply filter_one_find; eauto).
    destruct lt; simplify_eq/=. f_equal. by match goal with H : y = _ |- _ => rewrite H end. }
  unfold ok_or, checked_sub, checked_add in H. repeat case_match; simplify_eq/=.
  destruct lt as [t'|].
  - unfold scan. rewrite scan_type_changed. simpl.
    apply existsb_exists. exists r. split; [done|]. rewrite Hov.
    rewrite !bool_decide_eq_true_2; [done|congruence|done].
  - by rewrite (proj2 (Z.eqb_neq _ _) (Hcnt _)).
Qed.

Lemma set_lock_reports_unblock_witness :
  may_unblock (mkLockMutation true true) = true.
Proof.
  apply (set_lock_reports_unblock witness_alloc witness_m1 witness_file (Process 3) (Some Read)
    (mkLockRange 4 (Offset 6))
    (fst (set_lock witness_alloc witness_m1 witness_file (Process 3) (Some Read)
       (mkLockRange 4 (Offset 6)))) (mkLockMutation true true) 5 Write witness_m1_wf ltac:(by split)).
  - vm_compute. reflexivity.
  - vm_compute. reflexivity.
  - vm_compute. discriminate.
Defined.

(** Release on close, exit and OFD teardown. Each removal entry point
    erases exactly the bytes of the owners it names and leaves every other
    owner's byte map alone: closing any descriptor of a file drops the
    process's locks on that file only, process exit drops its locks on every
    file, the last close of an open file description drops its OFD and flock
    locks, and the sweep drops the OFD-style owners that are not live. *)
Theorem removal_releases_exactly_the_owner m f p f' o' b : wf (records m) ->
  held (records (fst (remove_process_file m p f))) f' o' b
    = (if decide (f' = f /\ o' = Process p) then None else held (records m) f' o' b)
  /\ held (records (fst (remove_process m p))) f' o' b
    = (if decide (o' = Process p) then None else held (records m) f' o' b)
  /\ held (records (fst (remove_ofd m p))) f' o' b
    = (if decide (o' = OpenFileDescription p \/ o' = Flock p) then None
       else held (records m) f' o' b)
  /\ forall live, held (records (fst (remove_dead_ofd_owners m live))) f' o' b
    = match o' with
      | OpenFileDescription id | Flock id =>
          if live id then held (records m) f' o' b else None
      | Process _ => held (records m) f' o' b
      end.
Proof.
  intros Hwf.
  split_and!; [| | |intros live].
  - unfold remove_process_file. rewrite remove_file_owner_filter, held_filter
      by (done || by intros r1 r2 -> ->).
    simpl. case_decide; case_bool_decide; tauto.
  - unfold remove_process, remove_owner, retain. cbn [fst records].
    rewrite held_filter by (by intros r1 r2 _ ->). simpl. by case_decide; case_bool_decide.
  - unfold remove_ofd, retain. cbn [fst records]. rewrite held_filter by (by intros r1 r2 _ ->). simpl.
    case_decide as Hd; [by destruct Hd as [->| ->]; simpl; rewrite Z.eqb_refl|].
    destruct o' as [q|q|q]; simpl; [done| |];
      (destruct (Z.eqb_spec q p) as [->|]; [|done]); exfalso; auto.
  - unfold remove_dead_ofd_owners, retain. cbn [fst records].
    rewrite held_filter by (by intros r1 r2 _ ->). by destruct o'.
Qed.

Lemma removal_releases_exactly_the_owner_witness :
  held (records witness_m1) witness_file (Process 3) 5 = Some Write
  /\ held (records (fst (remove_process witness_m1 3))) witness_file (Process 3) 5 = None
  /\ held (records (fst (remove_process witness_m1 4))) witness_file (Process 3) 5 = Some Write.
Proof.
  destruct (removal_releases_exactly_the_owner witness_m1 witness_file 3 witness_file
    (Process 3) 5 witness_m1_wf) as (_ & H3 & _).
  destruct (removal_releases_exactly_the_owner witness_m1 witness_file 4 witness_file
    (Process 3) 5 witness_m1_wf) as (_ & H4 & _).
  split; [reflexivity|]. split; [exact H3|exact H4].
Defined.

(** The growth loop reaches any target within the limit. *)
Lemma grow_target_enough fuel target required :
  4 <= target -> required <= MAX_ADVISORY_LOCK_RECORDS -> required - target <= Z.of_nat fuel ->
  required <= grow_target fuel target required.
Proof.
  revert target. induction fuel as [|fuel IH]; intros target H4 Hm Hf; simpl; [lia|].
  destruct (Z.ltb_spec target required); [|lia].
  unfold MAX_ADVISORY_LOCK_RECORDS, u32_max in *. apply IH; lia.
Qed.

Lemma ensure_capacity_enough alloc m n :
  (forall len cap add c, alloc len cap add = Some c -> len + add <= c) ->
  snd (ensure_capacity alloc m n) = Ok tt -> n <= capacity (fst (ensure_capacity alloc m n)).
Proof.
  intros Ha. unfold ensure_capacity. destruct (Z.leb_spec n (capacity m)); [done|].
  destruct (Z.ltb_spec MAX_ADVISORY_LOCK_RECORDS n); [done|].
  case_match eqn:E; [|done]. apply Ha in E. simpl. intros _.
  pose proof (grow_target_enough (Z.to_nat n) (Z.max (capacity m) 4) n). lia.
Qed.

(** Progress. A request that meets no conflicting lock is granted, whatever
    has to be split or merged, when the table has room for the three records
    it may add and the allocator serves the reservation. *)
Theorem set_lock_granted alloc m f o lt rg :
  (forall t, lt = Some t -> get_blocking_lock m f o t rg = None) ->
  (forall len cap add, alloc len cap add <> None) ->
  lenZ (records m) + 3 <= MAX_ADVISORY_LOCK_RECORDS ->
  exists m' mu, set_lock alloc m f o lt rg = (m', Ok mu).
Proof.
  intros Hnb Ha Hroom. unfold set_lock. unfold get_blocking_lock, file_slice in Hnb.
  destruct (file_bounds m f) as [s e] eqn:Hb. set (sl := slice s e (records m)) in *.
  assert (match lt with Some t => existsb (blocks o t rg) sl | None => false end = false) as ->.
  { destruct lt as [t|]; [|done]. specialize (Hnb t eq_refl).
    apply not_true_iff_false. intros Hx%find_blocks_existsb. done. }
  set (rm := should_remove _ _ _ _). set (sc := scan o lt rg sl).
  assert (lenZ (List.filter rm sl) <= lenZ (records m)) as Hle.
  { pose proof (filter_length_le rm sl). unfold sl, slice in *. rewrite length_take, length_drop in *. lia. }
  assert (forall A (x : option A), 0 <= opt_count x <= 1) as Hc by (intros A []; simpl; lia).
  pose proof (Hc _ (left_fragment sc)). pose proof (Hc _ (right_fragment sc)). pose proof (Hc _ lt).
  destruct (_ && bool_decide (lt = None)); [eauto|].
  destruct (_ && _ && _ && _ && _ && _); [eauto|].
  unfold ok_or, checked_sub, checked_add. rewrite (proj2 (Z.leb_le _ _) Hle).
  unfold MAX_ADVISORY_LOCK_RECORDS, u32_max in *.
  rewrite (proj2 (Z.leb_le _ _)) by lia. rewrite (proj2 (Z.ltb_ge _ _)) by lia.
  unfold ensure_capacity, MAX_ADVISORY_LOCK_RECORDS. destruct (_ <=? capacity m).
  { destruct (compact_slice _ _ _ _). eauto. }
  rewrite (proj2 (Z.ltb_ge _ _)) by lia. destruct (alloc _ _ _) eqn:E; [|by apply Ha in E].
  destruct (compact_slice _ _ _ _). eauto.
Qed.

Lemma set_lock_granted_witness :
  exists m' mu, set_lock witness_alloc witness_m1 witness_file (Process 3) None
    (mkLockRange 2 (Offset 5)) = (m', Ok mu).
Proof.
  apply (set_lock_granted witness_alloc witness_m1 witness_file (Process 3) None
    (mkLockRange 2 (Offset 5))); [done|done|vm_compute; discriminate].
Defined.

(** Reservation before mutation. The vector never outgrows the capacity
    that was reserved before the first record moved, so the insertions of a
    request never allocate. *)
Theorem set_lock_within_reservation alloc m f o lt rg m' mu :
  (forall len cap add c, alloc len cap add = Some c -> len + add <= c) ->
  wf (records m) -> lenZ (records m) <= capacity m ->
  set_lock alloc m f o lt rg = (m', Ok mu) ->
  lenZ (records m') <= capacity m'.
Proof.
  intros Ha Hwf Hcap. unfold set_lock. destruct (file_bounds m f) as [s e] eqn:Hb.
  destruct (file_bounds_block m f s e) as (pre & sl & post & Hfb & Heq); [apply Hwf|done|].
  rewrite Heq. destruct (match lt with Some t => _ | None => _ end); [done|].
  destruct (_ && bool_decide (lt = None)); [by intros [= <- <-]|].
  destruct (_ && _ && _ && _ && _ && _); [by intros [= <- <-]|].
  unfold ok_or, checked_sub, checked_add.
  destruct (_ <=? lenZ (records m)); [|done]. destruct (_ <=? u32_max); [|done].
  destruct (MAX_ADVISORY_LOCK_RECORDS <? _); [done|].
  match goal with |- context [ensure_capacity alloc m ?n] =>
    pose proof (ensure_capacity_enough alloc m n Ha) as He;
    pose proof (ensure_capacity_records alloc m n) as Hr;
    destruct (ensure_capacity alloc m n) as [m1 [[]|]]; [|done] end.
  simpl in *. specialize (He eq_refl). rewrite Hr.
  rewrite (compact_slice_filter _ s e _ f pre sl post Hfb). intros [= <- <-]. simpl.
  rewrite !length_insert_opt, !length_app. destruct Hfb as [Hrs _ _ _ _ _].
  rewrite Hrs, !length_app in *. set (rm := should_remove _ _ _ _) in *.
  pose proof (filter_partition_len rm sl).
  assert (forall y, opt_count (option_map y lt) = opt_count lt) as -> by (by destruct lt). lia.
Qed.

Lemma set_lock_within_reservation_witness :
  let m' := fst (set_lock witness_alloc witness_m1 witness_file (Process 3) (Some Read)
    (mkLockRange 4 (Offset 6))) in lenZ (records m') <= capacity m'.
Proof.
  intros m'.
  apply (set_lock_within_reservation witness_alloc witness_m1 witness_file (Process 3) (Some Read)
    (mkLockRange 4 (Offset 6)) m' (mkLockMutation true true)).
  - intros len cap add c [= <-]. lia.
  - exact witness_m1_wf.
  - vm_compute. discriminate.
  - reflexivity.
Defined.
