(* ===== verification/Fd.v ===== *)
(** * File descriptor tables (crates/runtime-core/src/fd.rs)

    A process's descriptor table: three inline slots for the standard streams,
    an admitted buffer of further slots, the number of occupied buffer slots
    and the RLIMIT_NOFILE bound. The abstract view of a table is the total map
    from descriptor numbers to slots, [Free] past the end. *)

From S2P Require Import Prelude IoBuffer.

Record FdEntry : Type := mkFdEntry { ofd_ref : Z; fd_flags : Z }.

Inductive FdSlot : Type := Free | Reserved | Open (entry : FdEntry).

Record FdTable : Type := mkFdTable {
  inline : list FdSlot;
  slots : IoBuffer FdSlot;
  occupied_slots : Z;
  max_fds : Z;
}.

#[global] Instance FdEntry_eq_dec : EqDecision FdEntry.
Proof. solve_decision. Defined.
#[global] Instance FdSlot_eq_dec : EqDecision FdSlot.
Proof. solve_decision. Defined.

Definition DEFAULT_MAX : Z := 1024.

Definition with_max (max : Z) : FdTable := mkFdTable [Free; Free; Free] IoBuffer.new 0 max.
Definition new : FdTable := with_max DEFAULT_MAX.

Definition slot_count (t : FdTable) : nat := (length (inline t) + length (values (slots t)))%nat.

Definition slot (t : FdTable) (index : nat) : option FdSlot :=
  if bool_decide (index < length (inline t))%nat then inline t !! index
  else values (slots t) !! (index - length (inline t))%nat.

(** Run a buffer operation on the [slots] field. *)
Definition on_slots {A} (m : op (IoBuffer FdSlot) A) : op FdTable A := fun t =>
  match m (slots t) with
  | Some (b, r) => Some (mkFdTable (inline t) b (occupied_slots t) (max_fds t), r)
  | None => None
  end.

(** [usize::try_from(fd)]. *)
Definition index_of (fd : Z) : option nat := if 0 <=? fd then Some (Z.to_nat fd) else None.

Section Table.
Variable size_of_slot : Z.

(** [ensure_slot] and [ensure_slot_with]. *)
Definition ensure_slot (mem : Memory) (index : nat) (limit : Z) : op FdTable unit := fun t =>
  if bool_decide (index < slot_count t)%nat then Some (t, Ok tt)
  else
    match checked_add usize_max (Z.of_nat index) 1 with
    | None => Some (t, Err ENOMEM)
    | Some next =>
        let length := next - lenZ (inline t) in
        if length <=? capacity (slots t) then on_slots (resize length Free) t
        else
          let want := Z.min (Z.max length (saturating_mul usize_max (capacity (slots t)) 2))
                            (saturating_sub limit (lenZ (inline t))) in
          (do! _ <- on_slots (reserve_with size_of_slot mem want);
           on_slots (resize length Free)) t
    end.

Definition replace_slot (index : nat) (value : FdSlot) : op FdTable unit := fun t =>
  match slot t index with
  | None => None
  | Some previous =>
      if bool_decide (index < length (inline t))%nat
      then Some (mkFdTable (<[index := value]> (inline t)) (slots t) (occupied_slots t)
                   (max_fds t), Ok tt)
      else
        let b := mkIoBuffer (<[(index - length (inline t))%nat := value]> (values (slots t)))
                   (capacity (slots t)) in
        match bool_decide (previous = Free), bool_decide (value = Free) with
        | true, false =>
            Some (mkFdTable (inline t) b (occupied_slots t + 1) (max_fds t), Ok tt)
        | false, true =>
            if occupied_slots t =? 0 then None
            else Some (mkFdTable (inline t) b (occupied_slots t - 1) (max_fds t), Ok tt)
        | _, _ => Some (mkFdTable (inline t) b (occupied_slots t) (max_fds t), Ok tt)
        end
  end.

Definition reclaim_empty_slots (t : FdTable) : FdTable :=
  if occupied_slots t =? 0 then mkFdTable (inline t) IoBuffer.new 0 (max_fds t) else t.

(** The scan of [alloc_at_min] and [reserve]: the first free slot from
    [min], or else the next one past the end. *)
Definition first_free (t : FdTable) (min : nat) : option nat :=
  List.find (fun index => bool_decide (slot t index = Some Free))
    (seq min (slot_count t - min)).

Definition claim_lowest (mem : Memory) (min : nat) (value : FdSlot) : op FdTable Z := fun t =>
  match first_free t min with
  | Some index =>
      if (max_fds t <=? Z.of_nat index) || (i32_max <? Z.of_nat index)
      then Some (t, Err EMFILE)
      else (do! _ <- replace_slot index value; op_ret (Z.of_nat index)) t
  | None =>
      let next := Nat.max (slot_count t) min in
      if (max_fds t <=? Z.of_nat next) || (i32_max <? Z.of_nat next)
      then Some (t, Err EMFILE)
      else (do! _ <- ensure_slot mem next (max_fds t);
            do! _ <- replace_slot next value;
            op_ret (Z.of_nat next)) t
  end.

Definition alloc_at_min (mem : Memory) (ofd flags min_fd : Z) : op FdTable Z :=
  claim_lowest mem (Z.to_nat (Z.max min_fd 0)) (Open (mkFdEntry ofd flags)).

Definition alloc (mem : Memory) (ofd flags : Z) : op FdTable Z := alloc_at_min mem ofd flags 0.

Definition reserve (mem : Memory) : op FdTable Z := claim_lowest mem 0 Reserved.

(** [let _ = self.alloc(OpenFileDescRef(i), 0)] for the three streams. *)
Definition preopen_stdio (mem : Memory) : op FdTable unit :=
  let open_ i (k : op FdTable unit) := op_match (alloc mem i 0) (fun _ => k) (fun _ => k) in
  open_ 0 (open_ 1 (open_ 2 (op_ret tt))).

Definition release_reserved (fd : Z) : op FdTable bool := fun t =>
  match index_of fd with
  | None => Some (t, Ok false)
  | Some index =>
      if bool_decide (slot t index <> Some Reserved) then Some (t, Ok false)
      else (do! _ <- replace_slot index Free;
            do! _ <- op_modify reclaim_empty_slots;
            op_ret true) t
  end.

Definition reserve_pair (mem1 mem2 : Memory) : op FdTable (Z * Z) :=
  do! first <- reserve mem1;
  op_match (reserve mem2)
    (fun second => op_ret (first, second))
    (fun error => do! _ <- release_reserved first; op_err error).

Definition install_reserved (fd ofd flags : Z) : op FdTable unit := fun t =>
  match index_of fd with
  | None => Some (t, Err EBADF)
  | Some idx =>
      if bool_decide (slot t idx <> Some Reserved) then Some (t, Err EBADF)
      else replace_slot idx (Open (mkFdEntry ofd flags)) t
  end.

Definition free (fd : Z) : op FdTable Z := fun t =>
  match index_of fd with
  | None => Some (t, Err EBADF)
  | Some index =>
      match slot t index with
      | Some (Open entry) =>
          (do! _ <- replace_slot index Free;
           do! _ <- op_modify reclaim_empty_slots;
           op_ret (ofd_ref entry)) t
      | _ => Some (t, Err EBADF)
      end
  end.

Definition get (t : FdTable) (fd : Z) : result FdEntry :=
  match index_of fd with
  | None => Err EBADF
  | Some index => match slot t index with Some (Open entry) => Ok entry | _ => Err EBADF end
  end.

(** [get_mut] followed by the caller's assignment to the entry. *)
Definition get_mut (fd : Z) (f : FdEntry -> FdEntry) : op FdTable unit := fun t =>
  match index_of fd with
  | None => Some (t, Err EBADF)
  | Some index =>
      match slot t index with
      | Some (Open entry) => replace_slot index (Open (f entry)) t
      | _ => Some (t, Err EBADF)
      end
  end.

(** [iter]: the open descriptors in order. *)
Definition iter (t : FdTable) : list (nat * FdEntry) :=
  omap (fun '(index, s) => match s with Open entry => Some (index, entry) | _ => None end)
    (imap pair (inline t ++ values (slots t))).

Definition restore_entry (mem : Memory) (fd : nat) (entry : FdEntry) : op FdTable unit := fun t =>
  if i32_max <? Z.of_nat fd then Some (t, Err EINVAL)
  else (do! _ <- ensure_slot mem fd (i32_max + 1); replace_slot fd (Open entry)) t.

Fixpoint restore_all (mem : Memory) (es : list (nat * FdEntry)) : op FdTable unit :=
  match es with
  | [] => op_ret tt
  | (fd, entry) :: es' => do! _ <- restore_entry mem fd entry; restore_all mem es'
  end.

Definition try_clone (mem : Memory) (t : FdTable) : option (result FdTable) :=
  match restore_all mem (iter t) (with_max (max_fds t)) with
  | Some (t', Ok _) => Some (Ok t')
  | Some (_, Err e) => Some (Err e)
  | None => None
  end.

Definition set_max_fds (max : Z) (t : FdTable) : FdTable :=
  mkFdTable (inline t) (slots t) (occupied_slots t) max.

(** [set_at], the table part of dup2. *)
Definition set_at (mem : Memory) (fd ofd flags : Z) : op FdTable (option Z) := fun t =>
  if (fd <? 0) || (max_fds t <=? fd) then Some (t, Err EBADF)
  else
    let idx := Z.to_nat fd in
    if bool_decide (slot t idx = Some Reserved) then Some (t, Err EBUSY)
    else
      (do! _ <- ensure_slot mem idx (max_fds t);
       do! old <- op_get (fun t => match slot t idx with
                                   | Some (Open entry) => Some (ofd_ref entry)
                                   | _ => None
                                   end);
       do! _ <- replace_slot idx (Open (mkFdEntry ofd flags));
       op_ret old) t.
End Table.

(** ** The abstract view and the invariant *)

(** The descriptor map a table stands for. *)
Definition view (t : FdTable) (index : nat) : FdSlot := default Free (slot t index).

Definition used (s : FdSlot) : Z := if bool_decide (s = Free) then 0 else 1.
Definition occupied (l : list FdSlot) : Z := foldr (fun s n => used s + n) 0 l.

Record wf (t : FdTable) : Prop := {
  wf_inline : length (inline t) = 3%nat;
  wf_slots : buf_ok (slots t);
  wf_occupied : occupied_slots t = occupied (values (slots t));
}.

Lemma used_nonneg s : 0 <= used s.
Proof. unfold used. by case_bool_decide. Qed.

Lemma occupied_app l k : occupied (l ++ k) = occupied l + occupied k.
Proof. induction l as [|s l IH]; simpl; lia. Qed.

Lemma occupied_nonneg l : 0 <= occupied l.
Proof. induction l as [|s l IH]; simpl; [done|]. pose proof (used_nonneg s). lia. Qed.

Lemma occupied_replicate n : occupied (replicate n Free) = 0.
Proof. induction n as [|n IH]; simpl; [done|]. by rewrite IH. Qed.

Lemma occupied_insert l i x v : l !! i = Some x ->
  occupied (<[i := v]> l) = occupied l - used x + used v.
Proof.
  revert i. induction l as [|s l IH]; intros [|i]; simpl; [done..| |]; [intros [= ->]; lia|].
  intros H. rewrite IH by done. lia.
Qed.

Lemma occupied_zero l i x : occupied l = 0 -> l !! i = Some x -> x = Free.
Proof.
  revert i. induction l as [|s l IH]; intros [|i]; simpl; [done..| |];
    pose proof (used_nonneg s); pose proof (occupied_nonneg l); intros Hz.
  - intros [= <-]. unfold used in *. case_bool_decide; [done|lia].
  - intros. apply (IH i); [lia|done].
Qed.

Lemma slot_split t i : wf t -> slot t i = (inline t ++ values (slots t)) !! i.
Proof.
  intros H. unfold slot. case_bool_decide.
  - by rewrite lookup_app_l.
  - by rewrite lookup_app_r by lia.
Qed.

Lemma slot_is_Some t i : wf t -> is_Some (slot t i) <-> (i < slot_count t)%nat.
Proof. intros H. rewrite slot_split, lookup_lt_is_Some, length_app by done. done. Qed.

Lemma view_past t i : wf t -> (slot_count t <= i)%nat -> view t i = Free.
Proof.
  intros H Hi. unfold view. rewrite slot_split by done.
  by rewrite lookup_ge_None_2 by (rewrite length_app; exact Hi).
Qed.

Lemma view_used t i s : slot t i = Some s -> view t i = s.
Proof. unfold view. by intros ->. Qed.

Lemma view_slot t i s : s <> Free -> view t i = s <-> slot t i = Some s.
Proof. intros Hs. unfold view. destruct (slot t i); simpl; split; congruence. Qed.

#[export] Hint Resolve wf_inline wf_slots wf_occupied : kandelo.

Lemma wf_with_max max : wf (with_max max).
Proof. by split. Qed.

Lemma view_with_max max j : view (with_max max) j = Free.
Proof. by destruct j as [|[|[|j]]]. Qed.

(** What an operation does to the map: [t'] differs from [t] at [i] only. *)
Record updated (t t' : FdTable) (i : nat) (s : FdSlot) : Prop := {
  upd_wf : wf t';
  upd_max : max_fds t' = max_fds t;
  upd_view : forall j, view t' j = if decide (j = i) then s else view t j;
}.

Lemma replace_slot_spec t i v : wf t -> (i < slot_count t)%nat ->
  exists t', replace_slot i v t = Some (t', Ok tt) /\ updated t t' i v
    /\ slot_count t' = slot_count t.
Proof.
  intros Hwf Hi. pose proof (proj2 (slot_is_Some t i Hwf) Hi) as [x Hx].
  pose proof (wf_inline _ Hwf) as H3. unfold replace_slot. rewrite Hx.
  unfold slot in Hx. case_bool_decide as Hin.
  { eexists. split; [done|]. unfold slot_count. simpl. rewrite length_insert. split; [|done].
    split; [split; simpl; [by rewrite length_insert|apply Hwf..]|done|].
    intros j. unfold view, slot. simpl. rewrite length_insert. case_decide as Hj.
    - subst j. rewrite bool_decide_eq_true_2 by done. by rewrite list_lookup_insert_eq.
    - by rewrite list_lookup_insert_ne. }
  set (l := values (slots t)) in *. set (k := (i - length (inline t))%nat) in *.
  assert (k < length l)%nat as Hk by (by apply lookup_lt_Some in Hx).
  pose proof (occupied_insert l k x v Hx) as Ho. pose proof (wf_occupied _ Hwf) as Hocc. fold l in Hocc.
  assert (forall n, n = occupied (<[k:=v]> l) ->
    updated t (mkFdTable (inline t) (mkIoBuffer (<[k:=v]> l) (capacity (slots t))) n (max_fds t)) i v
    /\ slot_count (mkFdTable (inline t) (mkIoBuffer (<[k:=v]> l) (capacity (slots t))) n (max_fds t))
       = slot_count t) as Hup.
  { intros n ->. unfold slot_count. simpl. rewrite length_insert. split; [|done].
    split; [split; simpl; [done| |done]|done|].
    - pose proof (wf_slots _ Hwf) as Hb. unfold buf_ok, len in *. simpl. by rewrite length_insert.
    - intros j. unfold view, slot. simpl. case_decide as Hj.
      + subst j. rewrite bool_decide_eq_false_2 by done. by rewrite list_lookup_insert_eq.
      + case_bool_decide; [done|]. rewrite list_lookup_insert_ne by lia. done. }
  unfold used in Ho.
  destruct (bool_decide (x = Free)) eqn:Ex, (bool_decide (v = Free)) eqn:Ev;
    try (eexists; split; [done|apply Hup; lia]).
  to_prop. subst v. destruct (Z.eqb_spec (occupied_slots t) 0) as [Hz|Hz].
  - exfalso. rewrite Hocc in Hz. by apply (occupied_zero l k x) in Hz.
  - eexists. split; [done|apply Hup; lia].
Qed.

(** Growing the table adds free slots only. *)
Record grown (t t' : FdTable) : Prop := {
  grown_wf : wf t';
  grown_max : max_fds t' = max_fds t;
  grown_view : forall j, view t' j = view t j;
}.

Lemma grown_refl t : wf t -> grown t t.
Proof. by split. Qed.

Lemma resize_slots_spec t n : wf t -> (slot_count t <= n + 3)%nat -> Z.of_nat n <= capacity (slots t) ->
  exists t', on_slots (resize (Z.of_nat n) Free) t = Some (t', Ok tt) /\ grown t t'
    /\ slot_count t' = (n + 3)%nat.
Proof.
  intros Hwf Hn Hc. pose proof (wf_inline _ Hwf) as H3. unfold on_slots, resize.
  rewrite (proj2 (Z.leb_le _ _) Hc), Nat2Z.id.
  eexists. split; [done|]. unfold slot_count in *. simpl. rewrite length_resize_list.
  split; [|lia]. set (l := values (slots t)) in *.
  split; [split; simpl| |].
  - done.
  - unfold buf_ok, len. simpl. by rewrite length_resize_list.
  - rewrite (wf_occupied _ Hwf). fold l. unfold resize_list. rewrite take_ge by lia.
    rewrite occupied_app, occupied_replicate. lia.
  - done.
  - intros j. unfold view, slot. simpl. case_bool_decide; [done|]. fold l.
    rewrite resize_list_lookup by lia. case_decide; [done|].
    rewrite (lookup_ge_None_2 l) by lia. by case_decide.
Qed.

Lemma reserve_slots_spec size mem want t : wf t ->
  exists t' r, on_slots (reserve_with size mem want) t = Some (t', r) /\ grown t t'
    /\ slot_count t' = slot_count t /\ (r = Ok tt -> want <= capacity (slots t'))
    /\ (forall e, r = Err e -> t' = t /\ (e = ENOMEM \/ e = EIO)).
Proof.
  intros Hwf. unfold on_slots.
  destruct (reserve_with_spec size mem want (slots t)) as (b & r & -> & Hr).
  pose proof (reserved_ok _ _ _ _ (wf_slots _ Hwf) Hr) as Hok. destruct Hr as (Hv & _ & Hc & He).
  eexists _, r. split; [done|]. unfold slot_count. simpl. rewrite Hv.
  split; [|split; [done|split; [done|]]].
  - split; [split; simpl; [apply Hwf|done|rewrite Hv; apply Hwf]|done|].
    intros j. unfold view, slot. simpl. by rewrite Hv.
  - intros e Hre. destruct (He e Hre) as [-> Hee]. by destruct t.
Qed.

Lemma grown_trans t1 t2 t3 : grown t1 t2 -> grown t2 t3 -> grown t1 t3.
Proof.
  intros [? H1 H2] [? H3 H4]. split; [done|congruence|]. intros j. by rewrite H4, H2.
Qed.

Lemma updated_grown t1 t2 t3 i s : grown t1 t2 -> updated t2 t3 i s -> updated t1 t3 i s.
Proof.
  intros [? H1 H2] [? H3 H4]. split; [done|congruence|]. intros j. rewrite H4, H2. done.
Qed.

(** The capacity asked for always covers the index when the limit does, so
    the resize that follows never panics. *)
Lemma ensure_slot_spec size mem index limit t : wf t -> Z.of_nat index < limit ->
  exists t' r, ensure_slot size mem index limit t = Some (t', r) /\ grown t t'
    /\ (r = Ok tt -> (index < slot_count t')%nat) /\ (forall e, r = Err e -> t' = t /\ (e = ENOMEM \/ e = EIO)).
Proof.
  intros Hwf Hlim. pose proof (wf_inline _ Hwf) as H3. unfold ensure_slot.
  case_bool_decide as Hi; [by exists t, (Ok tt); auto using grown_refl|].
  unfold checked_add. destruct (Z.leb_spec (Z.of_nat index + 1) usize_max);
    [|exists t, (Err ENOMEM); split_and!; [by auto using grown_refl..|intros ? [= <-]; auto]].
  assert (3 <= index)%nat by (unfold slot_count in Hi; lia).
  assert (Z.of_nat index + 1 - lenZ (inline t) = Z.of_nat (index - 2)) as -> by lia.
  destruct (Z.leb_spec (Z.of_nat (index - 2)) (capacity (slots t))).
  { destruct (resize_slots_spec t (index - 2)) as (t' & -> & Hg & Hc); [done|lia|done|].
    exists t', (Ok tt). split; [done|]. split; [done|]. split; [lia|done]. }
  unfold op_bind. set (want := Z.min _ _).
  destruct (reserve_slots_spec size mem want t Hwf) as (t1 & [[]|e] & -> & Hg & Hcnt & Hcap & He).
  - specialize (Hcap eq_refl).
    assert (Z.of_nat (index - 2) <= want) by (unfold want, saturating_sub; lia).
    destruct (resize_slots_spec t1 (index - 2)) as (t' & -> & Hg' & Hc); [apply Hg|lia|lia|].
    exists t', (Ok tt). split; [done|]. split; [by eapply grown_trans|]. split; [lia|done].
  - exists t1, (Err e). split; [done|]. split; [done|]. split; [done|]. done.
Qed.

Lemma first_free_Some t min i : wf t -> first_free t min = Some i ->
  (min <= i < slot_count t)%nat /\ view t i = Free
  /\ forall j, (min <= j < i)%nat -> view t j <> Free.
Proof.
  intros Hwf H. unfold first_free in H.
  apply find_some in H as Hs. destruct Hs as [Hin Hf]. apply in_seq in Hin. to_prop.
  split; [lia|]. split; [by apply view_used|]. intros j Hj Hv.
  assert (exists s, slot t j = Some s) as [s Hsj] by (apply slot_is_Some; [done|lia]).
  rewrite (view_used _ _ _ Hsj) in Hv. subst s.
  enough (forall n m, List.find (fun k => bool_decide (slot t k = Some Free)) (seq m n) = Some i ->
    (m <= j)%nat -> (i <= j)%nat) as He by (specialize (He _ _ H); lia).
  clear -Hsj. induction n as [|n IH]; intros m; simpl; [done|]. case_bool_decide as Hm.
  - intros [= <-]. done.
  - intros Hf Hmj. destruct (decide (m = j)); [congruence|]. apply (IH (S m)); [done|lia].
Qed.

Lemma first_free_None t min : wf t -> first_free t min = None ->
  forall j, (min <= j < slot_count t)%nat -> view t j <> Free.
Proof.
  intros Hwf H j Hj Hv. assert (exists s, slot t j = Some s) as [s Hs] by (apply slot_is_Some; [done|lia]).
  rewrite (view_used _ _ _ Hs) in Hv. subst s. unfold first_free in H.
  assert (In j (seq min (slot_count t - min))) as Hin by (apply in_seq; lia).
  pose proof (find_none _ _ H j Hin) as Hn. simpl in Hn. by to_prop.
Qed.

(** The lowest descriptor from [min] on that is not in use. *)
Definition lowest_free (t : FdTable) (min i : nat) : Prop :=
  (min <= i)%nat /\ view t i = Free /\ forall j, (min <= j < i)%nat -> view t j <> Free.

Lemma lowest_free_unique t min i j : lowest_free t min i -> lowest_free t min j -> i = j.
Proof.
  intros (H1 & H2 & H3) (H4 & H5 & H6).
  destruct (lt_eq_lt_dec i j) as [[|]|]; [|done|]; exfalso.
  - by apply (H6 i).
  - by apply (H3 j).
Qed.

(** What an allocation does: the lowest free number from [min], or EMFILE when
    that number is past the limits, or a refused reservation. *)
Definition claimed (t : FdTable) (min : nat) (value : FdSlot) (t' : FdTable) (r : result Z) : Prop :=
  exists i, lowest_free t min i /\
  match r with
  | Ok fd => fd = Z.of_nat i /\ fd < max_fds t /\ fd <= i32_max /\ updated t t' i value
  | Err e => t' = t /\ (e = EMFILE <-> max_fds t <= Z.of_nat i \/ i32_max < Z.of_nat i)
  end.

Lemma claim_lowest_spec size mem min value t : wf t ->
  exists t' r, claim_lowest size mem min value t = Some (t', r) /\ claimed t min value t' r.
Proof.
  intros Hwf. unfold claim_lowest, claimed. destruct (first_free t min) as [i|] eqn:Hff.
  - apply first_free_Some in Hff as (Hi & Hv & Hlow); [|done].
    assert (lowest_free t min i) by (split_and!; auto; lia).
    destruct (_ || _) eqn:Hlim.
    { exists t, (Err EMFILE). split; [done|]. exists i. split; [done|]. split; [done|].
      split; [|done]. intros _. apply orb_true_iff in Hlim as [|]; to_prop; auto. }
    to_prop. unfold op_bind, op_ret.
    destruct (replace_slot_spec t i value) as (t' & -> & Hup & _); [done|lia|].
    exists t', (Ok (Z.of_nat i)). split; [done|]. exists i. by split_and!.
  - pose proof (first_free_None t min Hwf Hff) as Hnone. set (next := Nat.max (slot_count t) min).
    assert (lowest_free t min next).
    { split_and!; [lia|apply view_past; [done|lia]|]. intros j Hj. apply Hnone. lia. }
    destruct (_ || _) eqn:Hlim.
    { exists t, (Err EMFILE). split; [done|]. exists next. split; [done|]. split; [done|].
      split; [|done]. intros _. apply orb_true_iff in Hlim as [|]; to_prop; auto. }
    to_prop. unfold op_bind, op_ret.
    destruct (ensure_slot_spec size mem next (max_fds t) t) as (t1 & [[]|e] & -> & Hg & Hc & He);
      [done|done| |].
    + destruct (replace_slot_spec t1 next value) as (t' & -> & Hup & _); [apply Hg|by apply Hc|].
      exists t', (Ok (Z.of_nat next)). split; [done|]. exists next.
      split_and!; [done..|]. by eapply updated_grown.
    + destruct (He e eq_refl) as [-> Hee]. exists t, (Err e). split; [done|]. exists next.
      split; [done|]. split; [done|]. split; [|lia]. by destruct Hee as [-> | ->].
Qed.

Lemma reclaim_spec t : wf t -> grown t (reclaim_empty_slots t).
Proof.
  intros Hwf. unfold reclaim_empty_slots.
  destruct (Z.eqb_spec (occupied_slots t) 0) as [Hz|]; [|by apply grown_refl].
  rewrite (wf_occupied _ Hwf) in Hz. split; [split; simpl; [apply Hwf|done|done]|done|].
  intros j. unfold view, slot. simpl. case_bool_decide; [done|].
  destruct (values (slots t) !! _) as [s|] eqn:Hs; [|done]. simpl.
  by rewrite (occupied_zero _ _ _ Hz Hs).
Qed.

Lemma updated_reclaim t t' i s : updated t t' i s -> updated t (reclaim_empty_slots t') i s.
Proof.
  intros [Hwf Hm Hv]. destruct (reclaim_spec t' Hwf) as [? Hm' Hv'].
  split; [done|congruence|]. intros j. by rewrite Hv'.
Qed.

Lemma clear_slot_spec {A} t i (a : A) : wf t -> (i < slot_count t)%nat ->
  exists t', (do! _ <- replace_slot i Free; do! _ <- op_modify reclaim_empty_slots; op_ret a) t
    = Some (t', Ok a) /\ updated t t' i Free.
Proof.
  intros Hwf Hi. unfold op_bind, op_modify, op_ret.
  destruct (replace_slot_spec t i Free Hwf Hi) as (t' & -> & Hup & _).
  eexists. split; [done|]. by apply updated_reclaim.
Qed.

Lemma slot_in_range t i s : wf t -> slot t i = Some s -> (i < slot_count t)%nat.
Proof. intros Hwf Hs. apply slot_is_Some; [done|by rewrite Hs]. Qed.

Lemma index_of_nat i : index_of (Z.of_nat i) = Some i.
Proof. unfold index_of. rewrite (proj2 (Z.leb_le _ _)) by lia. by rewrite Nat2Z.id. Qed.

Lemma index_of_Some fd i : index_of fd = Some i <-> fd = Z.of_nat i.
Proof.
  unfold index_of. destruct (Z.leb_spec 0 fd); split.
  - intros [= <-]. lia.
  - intros ->. by rewrite Nat2Z.id.
  - done.
  - lia.
Qed.

(** The entry a descriptor number names. *)
Definition is_open (t : FdTable) (fd : Z) (entry : FdEntry) : Prop :=
  exists i, fd = Z.of_nat i /\ view t i = Open entry.

Lemma get_is_open t fd entry : get t fd = Ok entry <-> is_open t fd entry.
Proof.
  unfold get, is_open. destruct (index_of fd) as [i|] eqn:Hi.
  - apply index_of_Some in Hi as ->. split.
    + intros H. exists i. split; [done|]. apply view_slot; [done|].
      by destruct (slot t i) as [[]|]; simplify_eq/=.
    + intros (j & ->%Nat2Z.inj & Hv%view_slot); [|done]. by rewrite Hv.
  - split; [done|]. intros (j & -> & _). by rewrite index_of_nat in Hi.
Qed.

Lemma get_err t fd e : get t fd = Err e -> e = EBADF.
Proof. unfold get. by repeat case_match; intros [= <-]. Qed.

Lemma free_spec fd t : wf t ->
  exists t' r, free fd t = Some (t', r) /\
  match r with
  | Ok o => exists i entry, fd = Z.of_nat i /\ view t i = Open entry /\ o = ofd_ref entry
      /\ updated t t' i Free
  | Err e => t' = t /\ e = EBADF /\ get t fd = Err EBADF
  end.
Proof.
  intros Hwf. unfold free, get. destruct (index_of fd) as [i|] eqn:Hi;
    [|by eexists t, (Err EBADF)].
  apply index_of_Some in Hi as ->.
  destruct (slot t i) as [[| |entry]|] eqn:Hs; try (by eexists t, (Err EBADF)).
  destruct (clear_slot_spec t i (ofd_ref entry) Hwf) as (t' & -> & Hup); [by eapply slot_in_range|].
  exists t', (Ok (ofd_ref entry)). split; [done|]. exists i, entry. by rewrite (view_used _ _ _ Hs).
Qed.

Lemma release_spec i t : wf t -> view t i = Reserved ->
  exists t', release_reserved (Z.of_nat i) t = Some (t', Ok true) /\ updated t t' i Free.
Proof.
  intros Hwf Hv%view_slot; [|done]. unfold release_reserved. rewrite index_of_nat.
  rewrite bool_decide_eq_false_2 by auto. apply clear_slot_spec; [done|by eapply slot_in_range].
Qed.

(** [reserve_pair] leaves no trace when the second reservation fails. *)
Lemma reserve_pair_spec size mem1 mem2 t : wf t ->
  exists t' r, reserve_pair size mem1 mem2 t = Some (t', r) /\ wf t' /\ max_fds t' = max_fds t /\
  match r with
  | Ok (a, b) => exists i j, a = Z.of_nat i /\ b = Z.of_nat j /\ (i < j)%nat
      /\ lowest_free t 0 i /\ lowest_free t (S i) j
      /\ forall k, view t' k = if decide (k = i \/ k = j) then Reserved else view t k
  | Err _ => forall k, view t' k = view t k
  end.
Proof.
  intros Hwf. unfold reserve_pair, op_bind at 1, reserve.
  destruct (claim_lowest_spec size mem1 0 Reserved t Hwf) as (t1 & [a|e] & -> & i & Hlow & Hc);
    [|by destruct Hc as [-> _]; exists t, (Err e)].
  destruct Hc as (-> & _ & _ & [Hwf1 Hm1 Hv1]). unfold op_match.
  destruct (claim_lowest_spec size mem2 0 Reserved t1 Hwf1) as (t2 & [b|e] & -> & j & Hlow2 & Hc).
  - destruct Hc as (-> & _ & _ & [Hwf2 Hm2 Hv2]).
    exists t2, (Ok (Z.of_nat i, Z.of_nat j)). split; [done|]. split; [done|]. split; [congruence|].
    destruct Hlow as (_ & Hi & Hbelow), Hlow2 as (_ & Hj & Hbelow2).
    assert (i < j)%nat as Hij.
    { destruct (lt_eq_lt_dec i j) as [[|<-]|Hlt]; [done|exfalso..].
      - rewrite Hv1, decide_True in Hj by done. done.
      - rewrite Hv1, decide_False in Hj by lia. by apply (Hbelow j); [lia|]. }
    exists i, j. split_and!; auto.
    + split; [lia|]. done.
    + split; [lia|]. rewrite Hv1, decide_False in Hj by lia. split; [done|].
      intros k Hk Hvk. apply (Hbelow2 k); [lia|]. by rewrite Hv1, decide_False by lia.
    + intros k. rewrite Hv2, Hv1. repeat case_decide; tauto.
  - destruct Hc as [-> _]. unfold op_bind, op_err.
    destruct (release_spec i t1 Hwf1) as (t' & -> & [Hwf' Hm' Hv']); [by rewrite Hv1, decide_True|].
    exists t', (Err e). split; [done|]. split; [done|]. split; [congruence|].
    intros k. rewrite Hv', Hv1. case_decide as Hk; [|done]. subst k. symmetry. apply Hlow.
Qed.

Lemma set_at_spec size mem fd ofd flags t : wf t ->
  exists t' r, set_at size mem fd ofd flags t = Some (t', r) /\
  match r with
  | Ok old => exists i, fd = Z.of_nat i /\ fd < max_fds t /\ view t i <> Reserved
      /\ old = (match view t i with Open e => Some (ofd_ref e) | _ => None end)
      /\ updated t t' i (Open (mkFdEntry ofd flags))
  | Err e => t' = t /\ (e = EBADF <-> fd < 0 \/ max_fds t <= fd)
      /\ (e = EBUSY <-> 0 <= fd < max_fds t /\ view t (Z.to_nat fd) = Reserved)
  end.
Proof.
  intros Hwf. unfold set_at. destruct (_ || _) eqn:Hr.
  { exists t, (Err EBADF). split; [done|]. split; [done|].
    apply orb_true_iff in Hr as [|]; to_prop; split; split; auto; done || lia. }
  to_prop. assert (exists i, fd = Z.of_nat i) as [i ->] by (exists (Z.to_nat fd); lia).
  rewrite Nat2Z.id.
  case_bool_decide as Hres.
  { exists t, (Err EBUSY). split; [done|]. split; [done|].
    split; [split; [done|lia]|]. split; [|done]. intros _. split; [lia|]. by apply view_used. }
  assert (view t i <> Reserved) as Hnr by (intros Hv%view_slot; done).
  unfold op_bind, op_get, op_ret.
  destruct (ensure_slot_spec size mem i (max_fds t) t) as (t1 & [[]|e] & -> & Hg & Hc & He); [done|lia| |].
  - destruct (replace_slot_spec t1 i (Open (mkFdEntry ofd flags))) as (t' & -> & Hup & _);
      [apply Hg|by apply Hc|].
    eexists t', (Ok _). split; [done|]. exists i. split_and!; [done|lia|done| |by eapply updated_grown].
    rewrite <- (grown_view _ _ Hg). unfold view. by destruct (slot t1 i) as [[]|].
  - destruct (He e eq_refl) as [-> Hee]. exists t, (Err e). split; [done|]. split; [done|].
    destruct Hee as [-> | ->]; (split; split; [done|lia|done|]); intros [_ ?]; done.
Qed.

Lemma install_spec fd ofd flags t : wf t ->
  exists t' r, install_reserved fd ofd flags t = Some (t', r) /\
  match r with
  | Ok _ => exists i, fd = Z.of_nat i /\ view t i = Reserved
      /\ updated t t' i (Open (mkFdEntry ofd flags))
  | Err e => t' = t /\ e = EBADF /\ forall i, fd = Z.of_nat i -> view t i <> Reserved
  end.
Proof.
  intros Hwf. unfold install_reserved. destruct (index_of fd) as [i|] eqn:Hi.
  - apply index_of_Some in Hi as ->. case_bool_decide as Hs.
    + exists t, (Err EBADF). split_and!; [done..|]. intros j ->%Nat2Z.inj Hv%view_slot; done.
    + destruct (replace_slot_spec t i (Open (mkFdEntry ofd flags)) Hwf) as (t' & -> & Hup & _);
        [by eapply slot_in_range|].
      exists t', (Ok tt). split; [done|]. exists i. by rewrite (view_used _ _ _ Hs).
  - exists t, (Err EBADF). split_and!; [done..|]. intros i ->. by rewrite index_of_nat in Hi.
Qed.

Lemma fd_get_mut_spec fd f t : wf t ->
  exists t' r, get_mut fd f t = Some (t', r) /\
  match r with
  | Ok _ => exists i entry, fd = Z.of_nat i /\ view t i = Open entry
      /\ updated t t' i (Open (f entry))
  | Err e => t' = t /\ e = EBADF /\ get t fd = Err EBADF
  end.
Proof.
  intros Hwf. unfold get_mut, get. destruct (index_of fd) as [i|] eqn:Hi;
    [|by eexists t, (Err EBADF)].
  apply index_of_Some in Hi as ->.
  destruct (slot t i) as [[| |entry]|] eqn:Hs; try (by eexists t, (Err EBADF)).
  destruct (replace_slot_spec t i (Open (f entry)) Hwf) as (t' & -> & Hup & _);
    [by eapply slot_in_range|].
  exists t', (Ok tt). split; [done|]. exists i, entry. by rewrite (view_used _ _ _ Hs).
Qed.

(** What a fork copies of a slot: a reservation in progress is not inherited. *)
Definition inherited (s : FdSlot) : FdSlot := match s with Reserved => Free | _ => s end.

Lemma restore_entry_spec size mem fd entry t : wf t ->
  exists t' r, restore_entry size mem fd entry t = Some (t', r)
    /\ (r = Ok tt -> updated t t' fd (Open entry))
    /\ (forall e, r = Err e -> e = EINVAL \/ e = ENOMEM \/ e = EIO).
Proof.
  intros Hwf. unfold restore_entry. destruct (Z.ltb_spec i32_max (Z.of_nat fd)).
  { exists t, (Err EINVAL). split_and!; [done..|]. intros ? [= <-]. auto. }
  unfold op_bind.
  destruct (ensure_slot_spec size mem fd (i32_max + 1) t) as (t1 & [[]|e] & -> & Hg & Hc & He); [done|lia| |].
  - destruct (replace_slot_spec t1 fd (Open entry)) as (t' & -> & Hup & _); [apply Hg|by apply Hc|].
    exists t', (Ok tt). split_and!; [done| |done]. intros _. by eapply updated_grown.
  - exists t1, (Err e). split_and!; [done..|]. intros ? [= <-]. destruct (He e eq_refl). auto.
Qed.

Definition open_entries (k : nat) (l : list FdSlot) : list (nat * FdEntry) :=
  omap (fun '(index, s) => match s with Open entry => Some (index, entry) | _ => None end)
    (imap (fun i s => ((k + i)%nat, s)) l).

Lemma iter_open_entries t : iter t = open_entries 0 (inline t ++ values (slots t)).
Proof. reflexivity. Qed.

Lemma open_entries_cons k s l : open_entries k (s :: l)
  = (match s with Open entry => [(k, entry)] | _ => [] end) ++ open_entries (S k) l.
Proof.
  unfold open_entries. simpl. rewrite Nat.add_0_r.
  assert (imap ((fun i s => ((k + i)%nat, s)) ∘ S) l = imap (fun i s => ((S k + i)%nat, s)) l) as ->
    by (apply imap_ext; intros; simpl; f_equal; lia).
  by destruct s.
Qed.

Lemma restore_all_spec size mem l k t : wf t -> (forall j, (k <= j)%nat -> view t j = Free) ->
  exists t' r, restore_all size mem (open_entries k l) t = Some (t', r)
    /\ (r = Ok tt -> wf t' /\ max_fds t' = max_fds t /\ forall j,
         view t' j = if decide (j < k)%nat then view t j else inherited (default Free (l !! (j - k)%nat))).
Proof.
  revert k t. induction l as [|s l IH]; intros k t Hwf Hfree.
  { exists t, (Ok tt). split; [done|]. intros _. split_and!; [done..|]. intros j.
    case_decide; [done|]. rewrite Hfree by lia. done. }
  rewrite open_entries_cons. assert ((exists entry, s = Open entry) \/ forall entry, s <> Open entry) as [[entry ->]|Hn]
    by (destruct s; eauto).
  - simpl. unfold op_bind at 1.
    destruct (restore_entry_spec size mem k entry t Hwf) as (t1 & [[]|e] & -> & Hup & _);
      [|by exists t1, (Err e)].
    destruct (Hup eq_refl) as [Hwf1 Hm1 Hv1].
    destruct (IH (S k) t1 Hwf1) as (t' & r & -> & Hr).
    { intros j Hj. rewrite Hv1, decide_False by lia. apply Hfree. lia. }
    exists t', r. split; [done|]. intros ->. destruct (Hr eq_refl) as (? & Hm' & Hv').
    split; [done|]. split; [congruence|]. intros j. rewrite Hv', Hv1.
    destruct (decide (j = k)) as [->|Hne].
    + rewrite decide_True, decide_False by lia. by rewrite Nat.sub_diag.
    + destruct (decide (j < k)%nat); [by rewrite decide_True by lia|]. rewrite decide_False by lia.
      replace (j - k)%nat with (S (j - S k)) by lia. done.
  - destruct (IH (S k) t Hwf) as (t' & r & Hrun & Hr); [intros; apply Hfree; lia|].
    exists t', r. split; [by destruct s; [..|exfalso; eapply Hn]|]. intros ->.
    destruct (Hr eq_refl) as (? & Hm' & Hv'). split; [done|]. split; [done|]. intros j. rewrite Hv'.
    destruct (decide (j = k)) as [->|Hne].
    + rewrite decide_True, decide_False by lia. rewrite Hfree, Nat.sub_diag by done. simpl.
      by destruct s; [..|exfalso; eapply Hn].
    + destruct (decide (j < k)%nat); [by rewrite decide_True by lia|]. rewrite decide_False by lia.
      replace (j - k)%nat with (S (j - S k)) by lia. done.
Qed.

(** ** Reachable tables *)

(** One operation of the table, with whatever memory it meets. *)
Inductive fd_step (size : Z) : FdTable -> FdTable -> Prop :=
  | step_alloc mem ofd flags min t t' r :
      alloc_at_min size mem ofd flags min t = Some (t', r) -> fd_step size t t'
  | step_reserve_pair mem1 mem2 t t' r :
      reserve_pair size mem1 mem2 t = Some (t', r) -> fd_step size t t'
  | step_reserve mem t t' r : reserve size mem t = Some (t', r) -> fd_step size t t'
  | step_install fd ofd flags t t' r :
      install_reserved fd ofd flags t = Some (t', r) -> fd_step size t t'
  | step_release fd t t' r : release_reserved fd t = Some (t', r) -> fd_step size t t'
  | step_free fd t t' r : free fd t = Some (t', r) -> fd_step size t t'
  | step_get_mut fd f t t' r : get_mut fd f t = Some (t', r) -> fd_step size t t'
  | step_set_at mem fd ofd flags t t' r :
      set_at size mem fd ofd flags t = Some (t', r) -> fd_step size t t'
  | step_set_max max t : fd_step size t (set_max_fds max t).

Lemma claimed_wf t min value t' r : wf t -> claimed t min value t' r -> wf t'.
Proof.
  intros Hwf (i & _ & H). destruct r; [by destruct H as (_ & _ & _ & [])|by destruct H as [-> _]].
Qed.

(** A method with a specification does not panic and ends as specified. *)
Lemma run_spec {A} (m : op FdTable A) t t' r (Q : FdTable -> result A -> Prop) :
  (exists t'' r', m t = Some (t'', r') /\ Q t'' r') -> m t = Some (t', r) -> Q t' r.
Proof. intros (? & ? & H1 & H2) H. congruence. Qed.

Lemma fd_release_wf fd t t' r : wf t -> release_reserved fd t = Some (t', r) -> wf t'.
Proof.
  intros Hwf. unfold release_reserved. destruct (index_of fd) as [i|] eqn:Hi; [|by intros [= <- _]].
  case_bool_decide as Hs; [by intros [= <- _]|]. intros H.
  destruct (clear_slot_spec t i true Hwf) as (t'' & Hrun & []); [by eapply slot_in_range|congruence].
Qed.

Lemma fd_step_wf size t t' : fd_step size t t' -> wf t -> wf t'.
Proof.
  intros H Hwf. destruct H; try match goal with H : _ = Some (t', _) |- _ => rename H into Hrun end.
  - eapply run_spec in Hrun; [|by apply claim_lowest_spec]. by eapply claimed_wf.
  - eapply run_spec in Hrun; [|by apply reserve_pair_spec]. apply Hrun.
  - eapply run_spec in Hrun; [|by apply claim_lowest_spec]. by eapply claimed_wf.
  - eapply run_spec in Hrun; [|by apply install_spec]. destruct r; [|by destruct Hrun as [-> _]].
    by destruct Hrun as (? & _ & _ & []).
  - by eapply fd_release_wf.
  - eapply run_spec in Hrun; [|by apply free_spec]. destruct r; [|by destruct Hrun as [-> _]].
    by destruct Hrun as (? & ? & _ & _ & _ & []).
  - eapply run_spec in Hrun; [|by apply fd_get_mut_spec]. destruct r; [|by destruct Hrun as [-> _]].
    by destruct Hrun as (? & ? & _ & _ & []).
  - eapply run_spec in Hrun; [|by apply set_at_spec]. destruct r; [|by destruct Hrun as [-> _]].
    by destruct Hrun as (? & _ & _ & _ & _ & []).
  - by destruct Hwf.
Qed.

Lemma reachable_fd_wf size t : rtc (fd_step size) new t -> wf t.
Proof.
  intros H. assert (wf new) as Hn by apply wf_with_max. revert Hn.
  induction H; eauto using fd_step_wf.
Qed.

(** ** Theorems *)

(** Lowest-available allocation. On a reachable table [alloc_at_min] does
    not panic. It finds the lowest free number at or above the minimum; it
    installs the entry there and nothing else changes, or it fails and the
    table is untouched, with EMFILE exactly when that number is at or past the
    RLIMIT_NOFILE bound or past [i32::MAX]. *)
Theorem alloc_at_min_lowest size mem ofd flags min_fd t : rtc (fd_step size) new t ->
  exists t' r i, alloc_at_min size mem ofd flags min_fd t = Some (t', r)
    /\ lowest_free t (Z.to_nat (Z.max min_fd 0)) i
    /\ match r with
       | Ok fd => fd = Z.of_nat i /\ fd < max_fds t
           /\ get t' fd = Ok (mkFdEntry ofd flags)
           /\ forall j, view t' j = if decide (j = i) then Open (mkFdEntry ofd flags) else view t j
       | Err e => t' = t /\ (e = EMFILE <-> max_fds t <= Z.of_nat i \/ i32_max < Z.of_nat i)
       end.
Proof.
  intros Hwf%reachable_fd_wf.
  destruct (claim_lowest_spec size mem (Z.to_nat (Z.max min_fd 0)) (Open (mkFdEntry ofd flags)) t Hwf)
    as (t' & r & Hrun & i & Hlow & Hc).
  exists t', r, i. split; [done|]. split; [done|]. destruct r as [fd|e]; [|done].
  destruct Hc as (-> & ? & _ & [_ _ Hv]). split_and!; [done..| |done].
  apply get_is_open. exists i. by rewrite Hv, decide_True.
Qed.

Definition witness_table : FdTable :=
  match (do! _ <- preopen_stdio 12 witness_mem; free 1) new with
  | Some (t, _) => t
  | None => new
  end.

Lemma witness_table_reachable : rtc (fd_step 12) new witness_table.
Proof.
  eapply rtc_l; [eapply (step_alloc 12 witness_mem 0 0 0); vm_compute; reflexivity|].
  eapply rtc_l; [eapply (step_alloc 12 witness_mem 1 0 0); vm_compute; reflexivity|].
  eapply rtc_l; [eapply (step_alloc 12 witness_mem 2 0 0); vm_compute; reflexivity|].
  apply rtc_once. eapply (step_free 12 1). vm_compute. reflexivity.
Qed.

Lemma alloc_at_min_lowest_witness :
  exists t', alloc_at_min 12 witness_mem 9 0 0 witness_table = Some (t', Ok 1)
    /\ get t' 1 = Ok (mkFdEntry 9 0).
Proof.
  destruct (alloc_at_min_lowest 12 witness_mem 9 0 0 witness_table witness_table_reachable)
    as (t' & r & i & Hrun & _ & H).
  assert (r = Ok 1) as -> by (vm_compute in Hrun; congruence).
  exists t'. split; [exact Hrun|apply H].
Defined.

(** C39. Invariant and panic freedom. Every table reachable from a new one has
    three inline slots, never more slots than were admitted and an exact
    occupancy counter, and no operation on it panics. *)
Theorem fd_table_safe size t : rtc (fd_step size) new t ->
  wf t
  /\ (forall mem ofd flags min, alloc_at_min size mem ofd flags min t <> None)
  /\ (forall mem1 mem2, reserve_pair size mem1 mem2 t <> None)
  /\ (forall fd ofd flags, install_reserved fd ofd flags t <> None)
  /\ (forall fd, free fd t <> None)
  /\ (forall mem fd ofd flags, set_at size mem fd ofd flags t <> None)
  /\ (forall mem, try_clone size mem t <> None).
Proof.
  intros Hwf%reachable_fd_wf. split; [done|]. split_and!; intros.
  - destruct (claim_lowest_spec size mem (Z.to_nat (Z.max min 0)) (Open (mkFdEntry ofd flags)) t Hwf)
      as (? & ? & H & _). unfold alloc_at_min. congruence.
  - destruct (reserve_pair_spec size mem1 mem2 t Hwf) as (? & ? & H & _). congruence.
  - destruct (install_spec fd ofd flags t Hwf) as (? & ? & H & _). congruence.
  - destruct (free_spec fd t Hwf) as (? & ? & H & _). congruence.
  - destruct (set_at_spec size mem fd ofd flags t Hwf) as (? & ? & H & _). congruence.
  - destruct (restore_all_spec size mem (inline t ++ values (slots t)) 0 (with_max (max_fds t)))
      as (t' & r & H & _); [apply wf_with_max|intros; apply view_with_max|].
    unfold try_clone. rewrite iter_open_entries, H. by destruct r.
Qed.

Lemma fd_table_safe_witness : wf witness_table /\ free 1 witness_table <> None.
Proof.
  destruct (fd_table_safe 12 witness_table witness_table_reachable) as (H & _ & _ & _ & Hf & _).
  split; [exact H|apply Hf].
Defined.

(** Close. [free] gives back the open file description of an open
    descriptor and frees exactly that number; on any other number it is EBADF
    and changes nothing. *)
Theorem free_closes_exactly fd t : wf t ->
  exists t' r, free fd t = Some (t', r) /\
  match r with
  | Ok o => exists entry, get t fd = Ok entry /\ o = ofd_ref entry /\ get t' fd = Err EBADF
      /\ forall fd', fd' <> fd -> get t' fd' = get t fd'
  | Err e => t' = t /\ e = EBADF /\ get t fd = Err EBADF
  end.
Proof.
  intros Hwf. destruct (free_spec fd t Hwf) as (t' & r & Hrun & H). exists t', r. split; [done|].
  destruct r as [o|]; [|done]. destruct H as (i & entry & -> & Hv & -> & [_ _ Hup]).
  exists entry. assert (forall t fd, get t fd = Err EBADF \/ exists e, get t fd = Ok e) as Hget.
  { intros t0 fd. destruct (get t0 fd) eqn:E; [eauto|]. apply get_err in E as ->. auto. }
  split_and!; [by apply get_is_open; exists i|done| |].
  - destruct (Hget t' (Z.of_nat i)) as [|[e (j & ->%Nat2Z.inj & Hj)%get_is_open]]; [done|].
    by rewrite Hup, decide_True in Hj.
  - intros fd' Hne.
    assert (forall e, get t' fd' = Ok e <-> get t fd' = Ok e) as Heq.
    { intros e. rewrite !get_is_open. unfold is_open. split; intros (j & -> & Hj); exists j; (split; [done|]).
      - by rewrite Hup, decide_False in Hj by congruence.
      - by rewrite Hup, decide_False by congruence. }
    destruct (Hget t' fd') as [Hx|[e He]]; [|by rewrite He; symmetry; apply Heq].
    destruct (Hget t fd') as [Hy|[e He]]; [congruence|]. apply Heq in He. congruence.
Qed.

Lemma free_closes_exactly_witness :
  exists t' r, free 2 witness_table = Some (t', r) /\ r = Ok 2 /\ get t' 2 = Err EBADF.
Proof.
  destruct (free_closes_exactly 2 witness_table (reachable_fd_wf 12 _ witness_table_reachable))
    as (t' & r & Hrun & H).
  assert (r = Ok 2) as -> by (vm_compute in Hrun; congruence).
  destruct H as (entry & _ & _ & H & _). eauto.
Defined.

(** Paired reservation (pipe, socketpair). [reserve_pair] reserves the two
    lowest free numbers in order; when either reservation fails the descriptor
    map is what it was before the call. *)
Theorem reserve_pair_atomic size mem1 mem2 t : wf t ->
  exists t' r, reserve_pair size mem1 mem2 t = Some (t', r) /\ wf t' /\
  match r with
  | Ok (a, b) => exists i j, a = Z.of_nat i /\ b = Z.of_nat j
      /\ lowest_free t 0 i /\ lowest_free t (S i) j
      /\ forall k, view t' k = if decide (k = i \/ k = j) then Reserved else view t k
  | Err _ => forall k, view t' k = view t k
  end.
Proof.
  intros Hwf. destruct (reserve_pair_spec size mem1 mem2 t Hwf) as (t' & r & Hrun & Hwf' & _ & H).
  exists t', r. split; [done|]. split; [done|]. destruct r as [[a b]|]; [|done].
  destruct H as (i & j & ? & ? & _ & ? & ? & ?). eauto 10.
Qed.

Lemma reserve_pair_atomic_witness :
  exists t', reserve_pair 12 witness_mem (mkMemory (fun _ => false) Some (fun _ => true))
    witness_table = Some (t', Err ENOMEM) /\ forall k, view t' k = view witness_table k.
Proof.
  destruct (reserve_pair_atomic 12 witness_mem (mkMemory (fun _ => false) Some (fun _ => true))
    witness_table (reachable_fd_wf 12 _ witness_table_reachable)) as (t' & r & Hrun & _ & H).
  assert (r = Err ENOMEM) as -> by (vm_compute in Hrun; congruence).
  exists t'. split; [exact Hrun|exact H].
Defined.

(** Fork. [try_clone] never panics; a successful clone maps every number to
    the same open entry with the same limit, and a reservation in progress in
    the parent is a free number in the child. *)
Theorem try_clone_inherits size mem t : wf t ->
  exists r, try_clone size mem t = Some r /\ forall t', r = Ok t' ->
    wf t' /\ max_fds t' = max_fds t /\ forall j, view t' j = inherited (view t j).
Proof.
  intros Hwf.
  destruct (restore_all_spec size mem (inline t ++ values (slots t)) 0 (with_max (max_fds t)))
    as (t' & r & H & Hr); [apply wf_with_max|intros; apply view_with_max|].
  unfold try_clone. rewrite iter_open_entries, H.
  destruct r as [[]|e]; eexists; (split; [done|]); [|done]. intros ? [= <-].
  destruct (Hr eq_refl) as (? & ? & Hv). split_and!; [done..|]. intros j.
  rewrite Hv, decide_False by lia. unfold view. by rewrite Nat.sub_0_r, (slot_split t) by done.
Qed.

Lemma try_clone_inherits_witness :
  exists t', try_clone 12 witness_mem witness_table = Some (Ok t') /\ view t' 2 = Open (mkFdEntry 2 0).
Proof.
  destruct (try_clone_inherits 12 witness_mem witness_table (reachable_fd_wf 12 _ witness_table_reachable))
    as (r & Hrun & H).
  destruct r as [t'|]; [|vm_compute in Hrun; discriminate].
  exists t'. split; [exact Hrun|]. destruct (H t' eq_refl) as (_ & _ & ->). reflexivity.
Defined.

(** dup2. [set_at] installs the entry at the number asked for and reports
    the description it displaced; a number outside [0, RLIMIT_NOFILE) is
    EBADF, a reservation in progress is EBUSY, and no failure changes the
    table. *)
Theorem set_at_dup2 size mem fd ofd flags t : wf t ->
  exists t' r, set_at size mem fd ofd flags t = Some (t', r) /\
  match r with
  | Ok old => exists i, fd = Z.of_nat i /\ fd < max_fds t
      /\ old = (match view t i with Open e => Some (ofd_ref e) | _ => None end)
      /\ forall j, view t' j = if decide (j = i) then Open (mkFdEntry ofd flags) else view t j
  | Err e => t' = t /\ (e = EBADF <-> fd < 0 \/ max_fds t <= fd)
      /\ (e = EBUSY <-> 0 <= fd < max_fds t /\ view t (Z.to_nat fd) = Reserved)
  end.
Proof.
  intros Hwf. destruct (set_at_spec size mem fd ofd flags t Hwf) as (t' & r & Hrun & H).
  exists t', r. split; [done|]. destruct r as [old|]; [|done].
  destruct H as (i & ? & ? & _ & ? & [_ _ Hv]). eauto 10.
Qed.

Lemma set_at_dup2_witness :
  exists t', set_at 12 witness_mem 40 9 0 witness_table = Some (t', Ok None)
    /\ view t' 40 = Open (mkFdEntry 9 0) /\ view t' 2 = view witness_table 2.
Proof.
  destruct (set_at_dup2 12 witness_mem 40 9 0 witness_table
    (reachable_fd_wf 12 _ witness_table_reachable)) as (t' & r & Hrun & H).
  assert (r = Ok None) as -> by (vm_compute in Hrun; congruence).
  exists t'. split; [exact Hrun|]. destruct H as (i & Hi & _ & _ & Hv).
  assert (i = 40%nat) as -> by lia. split; rewrite Hv; reflexivity.
Defined.
