(* ===== verification/OfdRefs.v ===== *)
(** * References to open file descriptions held outside of descriptor tables
    (crates/runtime-core/src/ofd.rs)

    Two machine-wide tables of [ofd.rs] count the owners of a description that
    no single process sees: the descriptors queued in SCM_RIGHTS messages, kept
    as a vector sorted by identity, and the processes that share a host file
    handle, kept as a map in which a handle without an entry has one owner.
    Both deduplicate a sorted vector in place when a process is forked. *)

From S2P Require Import Prelude IoBuffer.

(** ** Sorted vectors of counted keys *)

Abbreviation counted := (list (Z * Z)).

(** [binary_search_by_key] over a vector sorted by its distinct keys: the
    position of the key, or the position that keeps the vector sorted. *)
Definition search (key : Z) (l : counted) : nat + nat :=
  let index := partition_point (fun entry => fst entry <? key) l in
  match l !! index with
  | Some entry => if fst entry =? key then inl index else inr index
  | None => inr index
  end.

(** [sort_unstable_by_key]; entries with equal keys are equal where the code
    sorts, so the order among them does not show. *)
Definition key_le (a b : Z * Z) : Prop := fst a <= fst b.
#[global] Instance key_le_dec a b : Decision (key_le a b).
Proof. unfold key_le. apply _. Defined.
Definition sort_by_key (l : counted) : counted := merge_sort key_le l.

(** The loop over [read] that merges runs of equal keys into the prefix of
    [unique] entries; [merged] is that prefix, last entry first. *)
Fixpoint merge_runs (l merged : counted) : result counted :=
  match l with
  | [] => Ok (rev merged)
  | (key, count) :: l' =>
      match merged with
      | (last, total) :: merged' =>
          if last =? key
          then
            let? total' := ok_or (checked_add u32_max total count) EOVERFLOW in
            merge_runs l' ((last, total') :: merged')
          else merge_runs l' ((key, count) :: merged)
      | [] => merge_runs l' [(key, count)]
      end
  end.

(** ** Descriptors in flight *)

Section Queued.
Variable size_of_entry : Z.    (** [size_of::<(OfdId, u32)>()] *)

Definition retain_queued_reference (mem : Memory) (id : Z) : op (IoBuffer (Z * Z)) unit := fun refs =>
  if id =? 0 then Some (refs, Err EINVAL)
  else
    match search id (values refs) with
    | inl index =>
        match values refs !! index with
        | None => None
        | Some (key, count) =>
            Some (let? count' := ok_or (checked_add u32_max count 1) EOVERFLOW orelse refs in
                  (mkIoBuffer (<[index := (key, count')]> (values refs)) (capacity refs), Ok tt))
        end
    | inr index =>
        (do! _ <- (if len refs =? capacity refs
                   then
                     do! want <- op_lift (ok_or (checked_add usize_max (len refs) 1) ENOMEM);
                     reserve_with size_of_entry mem
                       (Z.max want (saturating_mul usize_max (capacity refs) 2))
                   else op_ret tt);
         insert index (id, 1)) refs
    end.

(** The vector gives its memory back when the last entry leaves. *)
Definition release_queued_reference (id : Z) (refs : IoBuffer (Z * Z))
    : IoBuffer (Z * Z) * bool :=
  match search id (values refs) with
  | inr _ => (refs, false)
  | inl index =>
      match values refs !! index with
      | None => (refs, false)
      | Some (key, count) =>
          if 1 <? count
          then (mkIoBuffer (<[index := (key, count - 1)]> (values refs)) (capacity refs), false)
          else
            let rest := remove_at index (values refs) in
            (match rest with [] => new | _ => mkIoBuffer rest (capacity refs) end, true)
      end
  end.

Definition has_in_flight_ofd (refs : IoBuffer (Z * Z)) (id : Z) : bool :=
  match search id (values refs) with inl _ => true | inr _ => false end.
End Queued.

(** ** Host handles *)

(** One more process shares the handle; the new map entry has to be admitted. *)
Definition host_handle_fork_ref (admitted : bool) (handle : Z) (refs : gmap Z Z)
    : gmap Z Z * result unit :=
  match refs !! handle with
  | Some count =>
      let? count' := ok_or (checked_add u32_max count 1) EOVERFLOW orelse refs in
      (<[handle := count']> refs, Ok tt)
  | None => if admitted then (<[handle := 2]> refs, Ok tt) else (refs, Err ENOMEM)
  end.

(** [true]: the caller closes the handle at the host. The subtraction panics
    on a count of zero. *)
Definition host_handle_close_ref (handle : Z) (refs : gmap Z Z) : option (gmap Z Z * bool) :=
  match refs !! handle with
  | Some count =>
      if count =? 0 then None
      else if count - 1 =? 0 then Some (delete handle refs, true)
      else Some (<[handle := count - 1]> refs, false)
  | None => Some (refs, true)
  end.

(** An entry of [PreparedHostHandleRefs]: the handle, its count after the fork
    and whether a new map entry was prepared for it. *)
Record PreparedRef : Type := mkPreparedRef { handle : Z; count : Z; prepared : bool }.

Fixpoint prepare_refs (admitted : Z -> bool) (refs : gmap Z Z) (entries : counted)
    : result (list PreparedRef) :=
  match entries with
  | [] => Ok []
  | (h, n) :: entries' =>
      let? total := ok_or (checked_add u32_max (default 1 (refs !! h)) n) EOVERFLOW in
      let? fresh := (match refs !! h with
                     | Some _ => Ok false
                     | None => if admitted h then Ok true else Err ENOMEM
                     end) in
      let? rest := prepare_refs admitted refs entries' in
      Ok (mkPreparedRef h total fresh :: rest)
  end.

(** [PreparedHostHandleRefs::prepare], given the host handles of the
    descriptions that the child inherits. *)
Definition prepare_host_handle_refs (size : Z) (mem : Memory) (admitted : Z -> bool)
    (refs : gmap Z Z) (inherited : list Z) : option (result (list PreparedRef)) :=
  match try_with_capacity size mem (lenZ inherited) with
  | None => None
  | Some (Err e) => Some (Err e)
  | Some (Ok buffer) =>
      match extend_from_slice (map (fun h => (h, 1)) inherited) buffer with
      | None => None
      | Some (filled, _) =>
          Some (let? entries := merge_runs (sort_by_key (values filled)) [] in
                prepare_refs admitted refs entries)
      end
  end.

(** [publish]: neither assertion may fail. *)
Fixpoint publish_refs (entries : list PreparedRef) (refs : gmap Z Z) : option (gmap Z Z) :=
  match entries with
  | [] => Some refs
  | e :: entries' =>
      match refs !! handle e with
      | Some _ => if prepared e then None else publish_refs entries' (<[handle e := count e]> refs)
      | None => if prepared e then publish_refs entries' (<[handle e := count e]> refs) else None
      end
  end.

(** ** Counting *)

(** How much a vector counts for a key. *)
Definition total (key : Z) (l : counted) : Z :=
  foldr (fun entry n => (if fst entry =? key then snd entry else 0) + n) 0 l.

(** Keys ascend strictly, counts are positive 32-bit numbers. *)
Definition ascending (l : counted) : Prop := StronglySorted Z.lt (map fst l).
Definition positive (l : counted) : Prop := Forall (fun entry => 1 <= snd entry <= u32_max) l.

Lemma total_app key l k : total key (l ++ k) = total key l + total key k.
Proof. induction l as [|e l IH]; simpl; lia. Qed.

Lemma total_perm key l k : l ≡ₚ k -> total key l = total key k.
Proof. induction 1; simpl; lia. Qed.

Lemma total_absent key l : (forall c, ~ In (key, c) l) -> total key l = 0.
Proof.
  induction l as [|[k c] l IH]; simpl; [done|]. intros H. rewrite IH by (intros c' ?; apply (H c'); auto).
  destruct (Z.eqb_spec k key) as [->|]; [|done]. by destruct (H c); left.
Qed.

Lemma total_nonneg key l : positive l -> 0 <= total key l.
Proof. induction 1 as [|e l He Hl IH]; simpl; [done|]. case_match; lia. Qed.

(** In an ascending vector a key that does not stand first or last is in the
    middle, and its entry holds the whole count. *)
Lemma ascending_app l k : ascending (l ++ k) <->
  ascending l /\ ascending k /\ forall a b, In a l -> In b k -> fst a < fst b.
Proof.
  unfold ascending. induction l as [|e l IH]; simpl.
  - split; [intros H; split_and!; [constructor|done|done]|by intros (_ & ? & _)].
  - rewrite map_app in *. split.
    + intros [Hs Hf]%StronglySorted_inv. apply IH in Hs as (H1 & H2 & H3).
      rewrite Forall_app in Hf. destruct Hf as [Hl Hk]. split_and!; [by constructor|done|].
      intros a b [<-|Ha] Hb; [|by apply H3]. rewrite List.Forall_forall in Hk. apply Hk, in_map, Hb.
    + intros ([H1 Hf]%StronglySorted_inv & H2 & H3). constructor; [apply IH; split_and!; auto|].
      apply Forall_app. split; [done|]. rewrite List.Forall_forall. intros x (b & <- & Hb)%in_map_iff. auto.
Qed.

Lemma ascending_cons e l : ascending (e :: l) <-> ascending l /\ forall b, In b l -> fst e < fst b.
Proof.
  rewrite (ascending_app [e] l). split; [intros (_ & H & H1); split; [done|]; intros b; apply H1; by left|].
  intros [H H1]. split_and!; [by repeat constructor|done|]. intros a b [<-|[]]. auto.
Qed.

(** The two outcomes of a search, with the parts of the vector around them. *)
Inductive searched (key : Z) (l : counted) : nat + nat -> Prop :=
  | searched_found l1 c l2 : l = l1 ++ (key, c) :: l2 -> searched key l (inl (length l1))
  | searched_missing l1 l2 : l = l1 ++ l2 ->
      (forall a, In a l1 -> fst a < key) -> (forall b, In b l2 -> key < fst b) ->
      searched key l (inr (length l1)).

Lemma search_skip key k c l : k < key ->
  search key ((k, c) :: l) = match search key l with inl i => inl (S i) | inr i => inr (S i) end.
Proof.
  intros H. unfold search. simpl. rewrite (proj2 (Z.ltb_lt k key) H). simpl.
  destruct (l !! _) as [e|]; [by destruct (fst e =? key)|done].
Qed.

Lemma search_spec key l : ascending l -> searched key l (search key l).
Proof.
  induction l as [|[k c] l IH]; intros Hl; [by apply (searched_missing key [] [] [])|].
  apply ascending_cons in Hl as [Hl Hk]. specialize (IH Hl). destruct (Z.lt_ge_cases k key) as [Hlt|Hge].
  - rewrite search_skip by done. destruct IH as [l1 c' l2 ->|l1 l2 -> H1 H2].
    + by apply (searched_found key _ ((k, c) :: l1) c' l2).
    + apply (searched_missing key _ ((k, c) :: l1) l2); [done| |done]. by intros a [<-|?]; auto.
  - unfold search. simpl. rewrite (proj2 (Z.ltb_ge k key) Hge). simpl.
    destruct (Z.eqb_spec k key) as [->|]; [by apply (searched_found key _ [] c l)|].
    apply (searched_missing key _ [] ((k, c) :: l)); [done..|]. intros b [<-|Hb]; [simpl; lia|].
    specialize (Hk b Hb). simpl in Hk. lia.
Qed.

Lemma total_middle key l1 c l2 : ascending (l1 ++ (key, c) :: l2) ->
  total key (l1 ++ (key, c) :: l2) = c.
Proof.
  intros (_ & H2 & H3)%ascending_app. apply ascending_cons in H2 as [_ H2].
  rewrite total_app. simpl. rewrite Z.eqb_refl, !total_absent; [lia| |].
  - intros c' Hi. specialize (H2 _ Hi). simpl in H2. lia.
  - intros c' Hi. specialize (H3 _ (key, c) Hi (or_introl eq_refl)). simpl in H3. lia.
Qed.

Lemma total_missing key l1 l2 : (forall a, In a l1 -> fst a < key) -> (forall b, In b l2 -> key < fst b) ->
  total key (l1 ++ l2) = 0.
Proof.
  intros H1 H2. apply total_absent. intros c [H|H]%in_app_iff; [apply H1 in H|apply H2 in H]; simpl in H; lia.
Qed.

(** Replacing the entry of a key. *)
Lemma insert_middle {A} (l1 l2 : list A) x y : <[length l1 := y]> (l1 ++ x :: l2) = l1 ++ y :: l2.
Proof. rewrite insert_app_r_alt by done. by rewrite Nat.sub_diag. Qed.

Lemma lookup_middle {A} (l1 l2 : list A) x : (l1 ++ x :: l2) !! length l1 = Some x.
Proof. by rewrite lookup_app_r, Nat.sub_diag by done. Qed.

Lemma remove_at_middle {A} (l1 l2 : list A) x : remove_at (length l1) (l1 ++ x :: l2) = l1 ++ l2.
Proof.
  unfold remove_at. rewrite take_app_length. f_equal.
  rewrite drop_app_ge by lia. by replace (S (length l1) - length l1)%nat with 1%nat by lia.
Qed.

Lemma insert_at_middle {A} (l1 l2 : list A) x : insert_at (length l1) x (l1 ++ l2) = l1 ++ x :: l2.
Proof. unfold insert_at. by rewrite take_app_length, drop_app_length. Qed.

Lemma ascending_same_key l1 key c c' l2 :
  ascending (l1 ++ (key, c) :: l2) -> ascending (l1 ++ (key, c') :: l2).
Proof. unfold ascending. by rewrite !map_app. Qed.

Lemma ascending_drop_middle l1 e l2 : ascending (l1 ++ e :: l2) -> ascending (l1 ++ l2).
Proof.
  rewrite !ascending_app, ascending_cons. intros (A1 & [A2 _] & A3). split_and!; [done..|].
  intros a b Ha Hb. apply A3; [done|by right].
Qed.

Lemma ascending_add_middle l1 e l2 : ascending (l1 ++ l2) ->
  (forall a, In a l1 -> fst a < fst e) -> (forall b, In b l2 -> fst e < fst b) ->
  ascending (l1 ++ e :: l2).
Proof.
  rewrite !ascending_app, ascending_cons. intros (A1 & A2 & A3) H1 H2. split_and!; try done.
  intros a b Ha [<-|Hb]; auto.
Qed.

(** ** Descriptors in flight are counted exactly *)

Record queued_ok (refs : IoBuffer (Z * Z)) : Prop := {
  queued_ascending : ascending (values refs);
  queued_positive : positive (values refs);
  queued_nonzero : forall e, In e (values refs) -> fst e <> 0;
  queued_admitted : buf_ok refs;
}.

Definition queued (refs : IoBuffer (Z * Z)) (id : Z) : Z := total id (values refs).

Lemma queued_ok_new : queued_ok new.
Proof. split; simpl; [constructor|constructor|done|done]. Qed.

Lemma total_change key l1 k c c' l2 :
  total key (l1 ++ (k, c') :: l2) = total key (l1 ++ (k, c) :: l2) + if k =? key then c' - c else 0.
Proof. rewrite !total_app. simpl. destruct (k =? key); lia. Qed.

Lemma total_add_middle key l1 k c l2 :
  total key (l1 ++ (k, c) :: l2) = total key (l1 ++ l2) + if k =? key then c else 0.
Proof. rewrite !total_app. simpl. destruct (k =? key); lia. Qed.

Lemma positive_middle l1 e l2 : positive (l1 ++ e :: l2) <->
  positive (l1 ++ l2) /\ 1 <= snd e <= u32_max.
Proof. unfold positive. rewrite !Forall_app, Forall_cons. tauto. Qed.

(** Room for one more entry. *)
Lemma queued_insert_spec {A} (l1 l2 : list A) x b : values b = l1 ++ l2 -> len b < capacity b ->
  insert (length l1) x b = Some (mkIoBuffer (l1 ++ x :: l2) (capacity b), Ok tt)
  /\ buf_ok (mkIoBuffer (l1 ++ x :: l2) (capacity b)).
Proof.
  intros Hv Hc. unfold insert, buf_ok, len in *. rewrite Hv in *.
  rewrite (proj2 (Z.ltb_lt _ _)) by done. rewrite bool_decide_eq_true_2 by (rewrite length_app; lia).
  simpl. rewrite insert_at_middle. split; [done|]. rewrite length_app in *. simpl. lia.
Qed.

(** What the two operations do to the count of each identity. *)
Definition counted_as (refs refs' : IoBuffer (Z * Z)) (id delta : Z) : Prop :=
  queued_ok refs' /\ forall k, queued refs' k = queued refs k + if id =? k then delta else 0.

Lemma recount_spec l1 l2 id c c' cap : queued_ok (mkIoBuffer (l1 ++ (id, c) :: l2) cap) ->
  1 <= c' <= u32_max ->
  counted_as (mkIoBuffer (l1 ++ (id, c) :: l2) cap) (mkIoBuffer (l1 ++ (id, c') :: l2) cap) id (c' - c).
Proof.
  intros [Ha Hp Hn Hb] Hc. simpl in *. apply positive_middle in Hp as [Hp _]. split; [split|]; simpl.
  - by eapply ascending_same_key.
  - by apply positive_middle.
  - intros e He. rewrite in_app_iff in He. simpl in He. destruct He as [He|[<-|He]];
      [apply Hn, in_app_iff; by left|by apply (Hn (id, c)), in_elt|apply Hn, in_app_iff; by do 2 right].
  - unfold buf_ok, len in *. simpl in *. by rewrite !length_app in *.
  - intros k. unfold queued. simpl. apply total_change.
Qed.

Lemma retain_fresh_spec l1 l2 id cap cap' : queued_ok (mkIoBuffer (l1 ++ l2) cap) -> id <> 0 ->
  (forall a, In a l1 -> fst a < id) -> (forall b, In b l2 -> id < fst b) ->
  buf_ok (mkIoBuffer (l1 ++ (id, 1) :: l2) cap') ->
  counted_as (mkIoBuffer (l1 ++ l2) cap) (mkIoBuffer (l1 ++ (id, 1) :: l2) cap') id 1.
Proof.
  intros [Ha Hp Hn Hb] Hid H1 H2 Hb'. simpl in *. split; [split|]; simpl.
  - by apply ascending_add_middle.
  - apply positive_middle. split; [done|]. simpl. unfold u32_max. lia.
  - intros e He. rewrite in_app_iff in He. simpl in He.
    destruct He as [He|[<-|He]]; [|done|]; apply Hn, in_app_iff; auto.
  - done.
  - intros k. unfold queued. simpl. by rewrite total_add_middle.
Qed.

Lemma release_last_spec l1 l2 id cap : queued_ok (mkIoBuffer (l1 ++ (id, 1) :: l2) cap) ->
  counted_as (mkIoBuffer (l1 ++ (id, 1) :: l2) cap)
    (match l1 ++ l2 with [] => new | _ => mkIoBuffer (l1 ++ l2) cap end) id (-1).
Proof.
  intros [Ha Hp Hn Hb]. simpl in *. apply positive_middle in Hp as [Hp _].
  assert (counted_as (mkIoBuffer (l1 ++ (id, 1) :: l2) cap) (mkIoBuffer (l1 ++ l2) cap) id (-1)) as Hall.
  { split; [split|]; simpl.
    - by eapply ascending_drop_middle.
    - done.
    - intros e He. apply Hn. rewrite in_app_iff in *. simpl. tauto.
    - unfold buf_ok, len in *. simpl in *. rewrite !length_app in *. simpl in *. lia.
    - intros k. unfold queued. simpl. rewrite total_add_middle. destruct (id =? k); lia. }
  destruct (l1 ++ l2) eqn:E; [|done]. destruct Hall as [_ Hq]. split; [apply queued_ok_new|done].
Qed.

Lemma queued_range refs id : queued_ok refs -> 0 <= queued refs id <= u32_max.
Proof.
  intros [Ha Hp _ _]. unfold queued. destruct (search_spec id _ Ha) as [l1 c l2 E|l1 l2 E H1 H2]; rewrite E in *.
  - rewrite total_middle by done. apply positive_middle in Hp as [_ Hp]. simpl in Hp. lia.
  - rewrite total_missing by done. unfold u32_max. lia.
Qed.

Lemma has_in_flight_spec refs id : queued_ok refs ->
  has_in_flight_ofd refs id = bool_decide (0 < queued refs id).
Proof.
  intros [Ha Hp _ _]. unfold has_in_flight_ofd, queued.
  destruct (search_spec id _ Ha) as [l1 c l2 E|l1 l2 E H1 H2]; rewrite E in *.
  - rewrite total_middle by done. apply positive_middle in Hp as [_ Hp]. simpl in Hp.
    by rewrite bool_decide_eq_true_2 by lia.
  - rewrite total_missing by done. by rewrite bool_decide_eq_false_2 by lia.
Qed.

Lemma queued_retain_spec size mem id refs : queued_ok refs ->
  exists refs' r, retain_queued_reference size mem id refs = Some (refs', r)
    /\ match r with
       | Ok _ => id <> 0 /\ counted_as refs refs' id 1
       | Err e => refs' = refs /\ (e = EINVAL <-> id = 0)
           /\ (e = EOVERFLOW <-> id <> 0 /\ queued refs id = u32_max)
       end.
Proof.
  destruct refs as [l cap]. intros Hok. pose proof Hok as [Ha Hp Hn Hb]. unfold retain_queued_reference. cbn [values] in *.
  destruct (Z.eqb_spec id 0) as [->|Hid]; [by eexists _, (Err EINVAL); split; [done|]; naive_solver|]. unfold queued. cbn [values].
  destruct (search_spec id _ Ha) as [l1 c l2 E|l1 l2 E H1 H2]; subst l.
  - rewrite lookup_middle. rewrite total_middle by done. apply positive_middle in Hp as [_ Hp]. simpl in Hp.
    unfold ok_or. split_checked Hc; [|by eexists _, (Err EOVERFLOW); split; [done|]; split; [done|]; split; [done|]; split; [|done]; intros _; split; [done|lia]].
    rewrite insert_middle. eexists _, (Ok tt). split; [done|]. split; [done|].
    replace 1 with (c + 1 - c) at 2 by lia. by apply recount_spec; [|lia].
  - rewrite total_missing by done.
    assert (forall e, e = ENOMEM \/ e = EIO -> (e = EINVAL <-> id = 0)
      /\ (e = EOVERFLOW <-> id <> 0 /\ 0 = u32_max)) as Herr.
    { intros e He. split; split; try (by destruct He as [-> | ->]); try done. by intros [_ ?]. }
    assert (forall cap', len (mkIoBuffer (l1 ++ l2) cap) < cap' ->
      exists refs' r, insert (length l1) (id, 1) (mkIoBuffer (l1 ++ l2) cap') = Some (refs', r)
        /\ r = Ok tt /\ id <> 0 /\ counted_as (mkIoBuffer (l1 ++ l2) cap) refs' id 1) as Hins.
    { intros cap' Hlen. destruct (queued_insert_spec l1 l2 (id, 1) (mkIoBuffer (l1 ++ l2) cap') eq_refl Hlen) as [-> Hb'].
      eexists _, (Ok tt). split_and!; [done..|]. by apply retain_fresh_spec. }
    unfold op_bind, op_lift, op_ret, ok_or. cbn [capacity].
    destruct (Z.eqb_spec (len (mkIoBuffer (l1 ++ l2) cap)) cap) as [He|He].
    + split_checked Hc; [|by eexists _, (Err ENOMEM); split; [done|]; split; [done|]; apply Herr; left].
      destruct (reserve_with_spec size mem (Z.max (len (mkIoBuffer (l1 ++ l2) cap) + 1) (saturating_mul usize_max cap 2))
        (mkIoBuffer (l1 ++ l2) cap)) as ([v' cap'] & [[]|e] & -> & Hv & Hcap & Hw & Hee); cbn [values capacity] in *.
      * subst v'. specialize (Hw eq_refl). destruct (Hins cap') as (refs' & r & -> & -> & H); [lia|]. by exists refs', (Ok tt).
      * destruct (Hee e eq_refl) as [-> Hce]. eexists _, (Err e). split; [done|]. split; [done|]. by apply Herr.
    + destruct (Hins cap) as (refs' & r & -> & -> & H); [unfold buf_ok in Hb; simpl in Hb; lia|]. by exists refs', (Ok tt).
Qed.

Lemma queued_release_spec id refs : queued_ok refs ->
  snd (release_queued_reference id refs) = bool_decide (queued refs id = 1)
  /\ counted_as refs (fst (release_queued_reference id refs)) id (if 0 <? queued refs id then -1 else 0).
Proof.
  destruct refs as [l cap]. intros Hok. pose proof Hok as [Ha Hp Hn Hb].
  unfold release_queued_reference, queued in *. cbn [values capacity] in *.
  destruct (search_spec id _ Ha) as [l1 c l2 E|l1 l2 E H1 H2]; subst l.
  - rewrite lookup_middle, total_middle by done. apply positive_middle in Hp as [_ Hp]. simpl in Hp.
    rewrite (proj2 (Z.ltb_lt 0 c)) by lia. destruct (Z.ltb_spec 1 c); cbn [fst snd].
    + rewrite insert_middle, bool_decide_eq_false_2 by lia. split; [done|].
      replace (-1) with (c - 1 - c) by lia. by apply recount_spec; [|lia].
    + assert (c = 1) as -> by lia. split; [done|]. rewrite remove_at_middle. by apply release_last_spec.
  - rewrite total_missing by done. split; [done|]. split; [done|]. intros k. unfold queued. simpl. case_match; lia.
Qed.

(** A call on the table of descriptors in flight, with the memory it meets. *)
Inductive QueueCall : Type := Retain (mem : Memory) (id : Z) | Release (id : Z).

(** The calls in turn; the answer of a call is an error or, for a release,
    whether the reference was the last. *)
Fixpoint queue_run (size : Z) (calls : list QueueCall) (refs : IoBuffer (Z * Z))
    : option (IoBuffer (Z * Z) * list (result bool)) :=
  match calls with
  | [] => Some (refs, [])
  | Retain mem id :: calls' =>
      match retain_queued_reference size mem id refs with
      | None => None
      | Some (refs', r) =>
          match queue_run size calls' refs' with
          | None => None
          | Some (refs'', answers) =>
              Some (refs'', (match r with Ok _ => Ok false | Err e => Err e end) :: answers)
          end
      end
  | Release id :: calls' =>
      let (refs', last) := release_queued_reference id refs in
      match queue_run size calls' refs' with
      | None => None
      | Some (refs'', answers) => Some (refs'', Ok last :: answers)
      end
  end.

(** The specification: a count per identity. *)
Definition bump (counts : Z -> Z) (id delta : Z) : Z -> Z :=
  fun k => counts k + if id =? k then delta else 0.

Fixpoint queue_spec (counts : Z -> Z) (calls : list QueueCall) (answers : list (result bool))
    (final : Z -> Z) : Prop :=
  match calls, answers with
  | [], [] => forall k, counts k = final k
  | Retain _ id :: calls', Ok _ :: answers' => id <> 0 /\ queue_spec (bump counts id 1) calls' answers' final
  | Retain _ id :: calls', Err e :: answers' =>
      (e = EINVAL <-> id = 0) /\ (e = EOVERFLOW <-> id <> 0 /\ counts id = u32_max)
      /\ queue_spec counts calls' answers' final
  | Release id :: calls', Ok last :: answers' =>
      last = bool_decide (counts id = 1)
      /\ queue_spec (bump counts id (if 0 <? counts id then -1 else 0)) calls' answers' final
  | _, _ => False
  end.

Lemma queue_spec_ext calls : forall counts counts' answers final,
  (forall k, counts k = counts' k) -> queue_spec counts calls answers final -> queue_spec counts' calls answers final.
Proof.
  induction calls as [|[mem id|id] calls IH]; intros counts counts' [|[a|e] answers] final H; simpl; try done.
  - intros Hf k. by rewrite <- H.
  - intros [? Hs]. split; [done|]. eapply IH; [|exact Hs]. intros k. unfold bump. by rewrite H.
  - rewrite H. intros (? & ? & Hs). split_and!; [done..|]. by eapply IH.
  - rewrite H. intros [? Hs]. split; [done|]. eapply IH; [|exact Hs]. intros k. unfold bump. by rewrite H.
Qed.

Lemma queue_run_refines size calls : forall refs, queued_ok refs ->
  exists refs' answers, queue_run size calls refs = Some (refs', answers) /\ queued_ok refs'
    /\ queue_spec (queued refs) calls answers (queued refs').
Proof.
  induction calls as [|[mem id|id] calls IH]; intros refs Hok; simpl.
  - by exists refs, [].
  - destruct (queued_retain_spec size mem id refs Hok) as (refs1 & [[]|e] & -> & H).
    + destruct H as [Hid [Hok1 Hq]]. destruct (IH refs1 Hok1) as (refs' & answers & -> & Hok' & Hs).
      eexists _, _. split; [done|]. split; [done|]. split; [done|]. by eapply queue_spec_ext.
    + destruct H as (-> & He & Ho). destruct (IH refs Hok) as (refs' & answers & -> & Hok' & Hs).
      eexists _, _. split; [done|]. split; [done|]. by split_and!.
  - destruct (queued_release_spec id refs Hok) as [Hl [Hok1 Hq]]. destruct (release_queued_reference id refs) as [refs1 last].
    simpl in *. destruct (IH refs1 Hok1) as (refs' & answers & -> & Hok' & Hs).
    eexists _, _. split; [done|]. split; [done|]. split; [done|]. by eapply queue_spec_ext.
Qed.

(** The table of descriptors in flight is a count per identity. No sequence of
    retains and releases panics. Its answers are those of the counts: a retain
    fails with EINVAL exactly for the reserved identity 0 and with EOVERFLOW
    exactly at the largest count, and a release reports the last reference
    exactly when the count was one. Afterwards an identity is in flight exactly
    when its count is positive. *)
Theorem in_flight_refines_counts size calls :
  exists refs answers final, queue_run size calls new = Some (refs, answers)
    /\ queue_spec (fun _ => 0) calls answers final
    /\ forall id, has_in_flight_ofd refs id = bool_decide (0 < final id).
Proof.
  destruct (queue_run_refines size calls new queued_ok_new) as (refs & answers & Hrun & Hok & Hs).
  exists refs, answers, (queued refs). split_and!; [done|done|]. intros id. by apply has_in_flight_spec.
Qed.

(** ** Merging runs *)

(** Sorted with repetitions. *)
Definition sorted (l : counted) : Prop := StronglySorted Z.le (map fst l).

Lemma sort_by_key_spec l : sort_by_key l ≡ₚ l /\ sorted (sort_by_key l).
Proof.
  split; [apply merge_sort_Permutation|]. unfold sorted, sort_by_key.
  assert (StronglySorted key_le (merge_sort key_le l)) as H.
  { apply Sorted_StronglySorted; [intros a b c; unfold key_le; lia|]. apply Sorted_merge_sort.
    intros a b. unfold key_le. lia. }
  induction H as [|a k Hs IH Hf]; simpl; [constructor|]. constructor; [done|].
  rewrite List.Forall_forall in *. intros x (b & <- & Hb)%in_map_iff. by apply Hf.
Qed.

(** The merged prefix is strictly ascending and stays below what is unread,
    but for its last key. *)
Lemma merge_runs_spec l : forall merged out, merge_runs l merged = Ok out ->
  sorted l -> ascending (rev merged) ->
  (forall a b, In a merged -> In b l -> fst a <= fst b) ->
  Forall (fun entry => 1 <= snd entry) l -> positive merged -> Forall (fun entry => snd entry <= u32_max) l ->
  ascending out /\ positive out /\ forall key, total key out = total key merged + total key l.
Proof.
  induction l as [|[k c] l IH]; intros merged out; simpl.
  - intros [= <-] _ Ha _ _ Hp _. split_and!; [done|by apply Forall_rev|].
    intros key. rewrite (total_perm key (rev merged) merged); [lia|]. symmetry. apply Permutation_rev.
  - intros Hrun [Hs Hk]%StronglySorted_inv Ha Hle [Hc Hl]%Forall_cons Hp [Hcu Hu]%Forall_cons. simpl in Hc, Hcu.
    assert (forall b, In b l -> k <= fst b) as Hkb.
    { intros b Hb. rewrite List.Forall_forall in Hk. by apply Hk, in_map. }
    destruct merged as [|[last t] merged'].
    { destruct (IH _ _ Hrun) as (? & ? & Ht); try done.
      - by repeat constructor.
      - by intros a b [<-|[]]; auto.
      - repeat constructor; simpl; lia.
      - split_and!; [done..|]. intros key. rewrite Ht. simpl. lia. }
    destruct (Z.eqb_spec last k) as [->|Hne].
    + revert Hrun. unfold ok_or. split_checked Ho; [|done]. intros Hrun.
      apply Forall_cons in Hp as [Ht Hp]. simpl in Ht.
      destruct (IH _ _ Hrun) as (? & ? & Htot); try done.
      * simpl in *. by eapply ascending_same_key.
      * intros a b [<-|Hin] Hb; [by apply Hkb|]. apply Hle; [by right|by right].
      * apply Forall_cons. split; [simpl; lia|done].
      * split_and!; [done..|]. intros key. rewrite Htot. simpl. case_match; lia.
    + destruct (IH _ _ Hrun) as (? & ? & Htot); try done.
      * simpl. simpl in Ha. apply ascending_app. split_and!; [done|by repeat constructor|].
        intros a b Ha' [<-|[]]. simpl. rewrite in_app_iff, <- in_rev in Ha'.
        assert (last < k) as Hlt.
        { specialize (Hle (last, t) (k, c) (or_introl eq_refl) (or_introl eq_refl)). simpl in Hle. lia. }
        destruct Ha' as [Hin|[<-|[]]]; [|done]. apply ascending_app in Ha as (_ & _ & H3).
        rewrite in_rev in Hin. specialize (H3 a (last, t) Hin (or_introl eq_refl)). simpl in H3. lia.
      * intros a b [<-|Hin] Hb; [by apply Hkb|]. etrans; [apply (Hle a (k, c)); [done|by left]|by apply Hkb].
      * apply Forall_cons. split; [simpl; lia|done].
      * split_and!; [done..|]. intros key. rewrite Htot. simpl. lia.
Qed.

(** The number of times a key occurs. *)
Definition occurrences (key : Z) (l : list Z) : Z := lenZ (List.filter (Z.eqb key) l).

Lemma total_ones key l : total key (map (fun h => (h, 1)) l) = occurrences key l.
Proof.
  unfold occurrences. induction l as [|h l IH]; [done|]. simpl. rewrite IH, (Z.eqb_sym key h).
  destruct (h =? key); simpl; lia.
Qed.

Lemma occurrences_pos key l : 0 < occurrences key l <-> In key l.
Proof.
  unfold occurrences. induction l as [|h l IH]; simpl; [lia|]. destruct (Z.eqb_spec key h) as [->|]; simpl.
  - split; [by left|lia].
  - rewrite IH. split; [by right|]. intros [->|?]; done.
Qed.

Lemma merge_ones l out : merge_runs (sort_by_key (map (fun h => (h, 1)) l)) [] = Ok out ->
  ascending out /\ positive out /\ forall key, total key out = occurrences key l.
Proof.
  intros H. destruct (sort_by_key_spec (map (fun h => (h, 1)) l)) as [Hp Hs].
  destruct (merge_runs_spec _ _ _ H Hs) as (? & ? & Ht); try done.
  - constructor.
  - rewrite Hp. apply Forall_map, List.Forall_forall. by simpl.
  - constructor.
  - rewrite Hp. apply Forall_map, List.Forall_forall. by simpl.
  - split_and!; [done..|]. intros key. rewrite Ht. simpl. by rewrite (total_perm key _ _ Hp), total_ones.
Qed.

(** ** Host handles are closed by their last owner *)

(** A fork publishes what it prepared: every inherited handle gains the
    number of descriptions that name it. *)
Lemma publish_prepared admitted refs entries : forall ps refs2, ascending entries ->
  prepare_refs admitted refs entries = Ok ps ->
  (forall e, In e entries -> refs2 !! fst e = refs !! fst e) ->
  exists refs', publish_refs ps refs2 = Some refs'
    /\ (forall e, In e entries -> refs' !! fst e = Some (default 1 (refs !! fst e) + snd e)
                                  /\ default 1 (refs !! fst e) + snd e <= u32_max)
    /\ (forall h, ~ In h (map fst entries) -> refs' !! h = refs2 !! h).
Proof.
  induction entries as [|[h n] entries IH]; intros ps refs2 Ha Hp Hsame; simpl in Hp.
  { injection Hp as <-. by exists refs2. }
  apply ascending_cons in Ha as [Ha Hh]. revert Hp. unfold ok_or. split_checked Hc; [|done].
  pose proof (Hsame (h, n) (or_introl eq_refl)) as Hr. simpl in Hr.
  set (c := default 1 (refs !! h) + n) in *.
  intros Hp. destruct (match refs !! h with Some _ => Ok false | None => _ end) as [fresh|] eqn:Ef; [|done].
  destruct (prepare_refs admitted refs entries) as [rest|] eqn:Er; [|done]. injection Hp as <-.
  destruct (IH rest (<[h := c]> refs2) Ha eq_refl) as (refs' & Hrun & Hin & Hout).
  { intros e He. rewrite lookup_insert_ne; [apply Hsame; by right|]. specialize (Hh e He). simpl in Hh. lia. }
  exists refs'. split_and!.
  - simpl. rewrite Hr. by destruct (refs !! h); [|destruct (admitted h)]; simplify_eq/=.
  - intros e [<-|He]; [|by apply Hin]. simpl. split; [|done]. rewrite Hout; [by rewrite lookup_insert_eq|].
    intros (b & Hb & Hbin)%in_map_iff. specialize (Hh b Hbin). simpl in Hh. lia.
  - intros k Hk. simpl in Hk. rewrite Hout by tauto. rewrite lookup_insert_ne; [done|]. intros ->. tauto.
Qed.

(** The handles the host has open and, per handle, how many descriptions,
    queued messages and executables own it. *)
Record HandleState : Type := mkHandles {
  refs : gmap Z Z;
  owners : Z -> Z;
  host_open : gset Z;
}.

Definition initial_handles : HandleState := mkHandles ∅ (fun _ => 0) ∅.

(** The host opens a handle that it does not have open; an owner shares its
    handle; a child inherits handles that its parent owns; an owner closes. *)
Inductive handle_step (size : Z) : HandleState -> HandleState -> Prop :=
  | handle_open h s : h ∉ host_open s ->
      handle_step size s (mkHandles (refs s) (bump (owners s) h 1) ({[h]} ∪ host_open s))
  | handle_share admitted h s refs' r : 0 < owners s h ->
      host_handle_fork_ref admitted h (refs s) = (refs', r) ->
      handle_step size s (mkHandles refs' (bump (owners s) h (if is_ok r then 1 else 0)) (host_open s))
  | handle_fork mem admitted inherited s ps refs' : (forall h, In h inherited -> 0 < owners s h) ->
      prepare_host_handle_refs size mem admitted (refs s) inherited = Some (Ok ps) ->
      publish_refs ps (refs s) = Some refs' ->
      handle_step size s (mkHandles refs' (fun h => owners s h + occurrences h inherited) (host_open s))
  | handle_close h s refs' last : 0 < owners s h ->
      host_handle_close_ref h (refs s) = Some (refs', last) ->
      handle_step size s (mkHandles refs' (bump (owners s) h (-1))
        (if last then host_open s ∖ {[h]} else host_open s)).

Record handles_ok (s : HandleState) : Prop := {
  counts_exact : forall h, match refs s !! h with
                 | Some c => c = owners s h /\ 1 <= c <= u32_max
                 | None => 0 <= owners s h <= 1
                 end;
  open_while_owned : forall h, h ∈ host_open s <-> 0 < owners s h;
}.

Lemma occurrences_nonneg key l : 0 <= occurrences key l.
Proof. unfold occurrences. lia. Qed.

Lemma in_total key l : positive l -> 0 < total key l -> exists c, In (key, c) l.
Proof.
  induction 1 as [|[k c] l Hc Hl IH]; simpl; [lia|]. destruct (Z.eqb_spec k key) as [->|].
  - intros _. exists c. by left.
  - intros H. destruct IH as [c' Hc']; [lia|]. exists c'. by right.
Qed.

Lemma ascending_total key c l : ascending l -> In (key, c) l -> total key l = c.
Proof. intros Ha (l1 & l2 & ->)%in_split. by apply total_middle. Qed.

(** Merged and prepared references are published without a panic, and every
    handle gains as many owners as it occurs. *)
Definition shared_more (inherited : list Z) (refs refs' : gmap Z Z) : Prop :=
  forall h, if 0 <? occurrences h inherited
    then refs' !! h = Some (default 1 (refs !! h) + occurrences h inherited)
         /\ default 1 (refs !! h) + occurrences h inherited <= u32_max
    else refs' !! h = refs !! h.

Lemma merged_refs_spec admitted refs inherited entries ps :
  merge_runs (sort_by_key (map (fun h => (h, 1)) inherited)) [] = Ok entries -> prepare_refs admitted refs entries = Ok ps ->
  exists refs', publish_refs ps refs = Some refs' /\ shared_more inherited refs refs'.
Proof.
  intros (Ha & Hp & Ht)%merge_ones Hprep. destruct (publish_prepared _ _ _ _ refs Ha Hprep) as (refs' & Hrun & Hin & Hout); [done|].
  exists refs'. split; [done|]. intros h. destruct (Z.ltb_spec 0 (occurrences h inherited)) as [Hpos|Hz].
  - rewrite <- Ht in Hpos. destruct (in_total _ _ Hp Hpos) as [c Hc].
    rewrite <- Ht, (ascending_total _ _ _ Ha Hc). by apply (Hin (h, c)).
  - apply Hout. intros ([k c] & <- & Hc)%in_map_iff. simpl in Hz. rewrite <- Ht, (ascending_total _ _ _ Ha Hc) in Hz.
    unfold positive in Hp. rewrite List.Forall_forall in Hp. specialize (Hp _ Hc). simpl in Hp. lia.
Qed.

Lemma handles_prepare_spec size mem admitted refs inherited ps :
  prepare_host_handle_refs size mem admitted refs inherited = Some (Ok ps) ->
  exists refs', publish_refs ps refs = Some refs' /\ shared_more inherited refs refs'.
Proof.
  unfold prepare_host_handle_refs, extend_from_slice, try_with_capacity, build.
  destruct (try_reserve_exact_spec size mem (lenZ inherited) (@new (Z * Z))) as (b & [[]|e] & -> & Hv & _); [|done].
  cbn [values] in Hv. unfold len. rewrite Hv.
  destruct (_ <=? _); [|done]. cbn [values app new].
  destruct (merge_runs _ _) as [entries|] eqn:Em; [|done]. intros [= Hprep]. by eapply merged_refs_spec.
Qed.

(** A new count for one handle, the others as they were. *)
Lemma counts_exact_insert s h c open' : handles_ok s -> 1 <= c <= u32_max ->
  (forall k, k ∈ open' <-> 0 < bump (owners s) h (c - owners s h) k) ->
  handles_ok (mkHandles (<[h := c]> (refs s)) (bump (owners s) h (c - owners s h)) open').
Proof.
  intros [Hc Ho] Hr Hopen. split; simpl; [|done]. intros k. unfold bump. destruct (Z.eqb_spec h k) as [->|Hne].
  - rewrite lookup_insert_eq. lia.
  - rewrite lookup_insert_ne, Z.add_0_r by done. apply Hc.
Qed.

Lemma bump_same counts h c : bump counts h (c - counts h) h = c.
Proof. unfold bump. rewrite Z.eqb_refl. lia. Qed.

Lemma bump_other counts h d k : h <> k -> bump counts h d k = counts k.
Proof. intros H. unfold bump. rewrite (proj2 (Z.eqb_neq h k) H). lia. Qed.

Lemma bump_zero counts h : forall k, bump counts h 0 k = counts k.
Proof. intros k. unfold bump. case_match; lia. Qed.

Lemma handles_ok_ext r o o' p : (forall k, o k = o' k) ->
  handles_ok (mkHandles r o p) -> handles_ok (mkHandles r o' p).
Proof. intros H [Hc Ho]. split; simpl in *; intros h; rewrite <- H; [apply Hc|apply Ho]. Qed.

Lemma share_ok s admitted h refs' r : handles_ok s -> 0 < owners s h ->
  host_handle_fork_ref admitted h (refs s) = (refs', r) ->
  handles_ok (mkHandles refs' (bump (owners s) h (if is_ok r then 1 else 0)) (host_open s)).
Proof.
  intros Hok Hown. pose proof Hok as [Hc Ho]. specialize (Hc h). unfold host_handle_fork_ref, ok_or.
  assert (handles_ok (mkHandles (refs s) (bump (owners s) h 0) (host_open s))) as Hsame.
  { apply (handles_ok_ext _ (owners s)); [intros k; by rewrite bump_zero|by destruct s]. }
  assert (forall c, c = owners s h + 1 -> c <= u32_max ->
    handles_ok (mkHandles (<[h := c]> (refs s)) (bump (owners s) h 1) (host_open s))) as Hins.
  { intros c -> Hu. replace 1 with (owners s h + 1 - owners s h) at 2 by lia. apply counts_exact_insert; [done|lia|].
    intros k. rewrite Ho. destruct (decide (h = k)) as [<-|]; [rewrite bump_same; lia|by rewrite bump_other]. }
  destruct (refs s !! h) as [c|].
  - destruct Hc as [-> Hc]. split_checked Hov; intros [= <- <-]; simpl; [by apply Hins|done].
  - destruct admitted; intros [= <- <-]; simpl; [|done]. apply Hins; [lia|]. unfold u32_max. lia.
Qed.

Lemma close_ok s h : handles_ok s -> 0 < owners s h ->
  exists refs' last, host_handle_close_ref h (refs s) = Some (refs', last)
    /\ last = bool_decide (owners s h = 1)
    /\ handles_ok (mkHandles refs' (bump (owners s) h (-1)) (if last then host_open s ∖ {[h]} else host_open s)).
Proof.
  intros Hok Hown. pose proof Hok as [Hc Ho]. pose proof (Hc h) as Hh. unfold host_handle_close_ref.
  assert (forall r, (forall k, h <> k -> r !! k = refs s !! k) -> r !! h = None -> owners s h = 1 ->
    handles_ok (mkHandles r (bump (owners s) h (-1)) (host_open s ∖ {[h]}))) as Hlast.
  { intros r Hr Hn H1. split; simpl; intros k; destruct (decide (h = k)) as [<-|Hne].
    - rewrite Hn. unfold bump. rewrite Z.eqb_refl. lia.
    - rewrite Hr, bump_other by done. apply Hc.
    - unfold bump. rewrite Z.eqb_refl. split; [set_solver|lia].
    - rewrite bump_other by done. rewrite <- Ho. set_solver. }
  destruct (refs s !! h) as [c|] eqn:Er.
  - destruct Hh as [-> Hr]. destruct (Z.eqb_spec (owners s h) 0); [lia|].
    destruct (Z.eqb_spec (owners s h - 1) 0).
    + eexists _, true. split; [done|]. split; [by rewrite bool_decide_eq_true_2 by lia|].
      apply Hlast; [intros k Hk; by rewrite lookup_delete_ne|apply lookup_delete_eq|lia].
    + eexists _, false. split; [done|]. split; [by rewrite bool_decide_eq_false_2 by lia|].
      replace (-1) with (owners s h - 1 - owners s h) by lia. apply counts_exact_insert; [done|lia|].
      intros k. rewrite Ho. destruct (decide (h = k)) as [<-|]; [rewrite bump_same; lia|by rewrite bump_other].
  - eexists _, true. split; [done|]. split; [by rewrite bool_decide_eq_true_2 by lia|]. apply Hlast; [done|done|lia].
Qed.

Lemma shared_more_ok inherited s refs' : handles_ok s -> (forall h, In h inherited -> 0 < owners s h) ->
  shared_more inherited (refs s) refs' -> handles_ok (mkHandles refs' (fun h => owners s h + occurrences h inherited) (host_open s)).
Proof.
  intros [Hc Ho] Hown Hr. split; simpl; intros h; specialize (Hc h); specialize (Hr h);
    pose proof (occurrences_nonneg h inherited).
  - destruct (Z.ltb_spec 0 (occurrences h inherited)) as [Hpos|Hz].
    + destruct Hr as [-> Hu]. apply occurrences_pos, Hown in Hpos. destruct (refs s !! h); simpl in *; lia.
    + rewrite Hr. replace (occurrences h inherited) with 0 by lia. rewrite Z.add_0_r. apply Hc.
  - rewrite Ho. split; [lia|]. intros Hpos. destruct (Z.ltb_spec 0 (occurrences h inherited)) as [Hin|]; [|lia].
    by apply Hown, occurrences_pos.
Qed.

Lemma fork_ok size mem admitted inherited s ps : handles_ok s -> (forall h, In h inherited -> 0 < owners s h) ->
  prepare_host_handle_refs size mem admitted (refs s) inherited = Some (Ok ps) ->
  exists refs', publish_refs ps (refs s) = Some refs'
    /\ handles_ok (mkHandles refs' (fun h => owners s h + occurrences h inherited) (host_open s)).
Proof.
  intros Hok Hown Hp. destruct (handles_prepare_spec _ _ _ _ _ _ Hp) as (refs' & Hrun & Hr).
  exists refs'. split; [done|]. by apply shared_more_ok.
Qed.

Lemma handle_step_ok size s s' : handle_step size s s' -> handles_ok s -> handles_ok s'.
Proof.
  intros H Hok. pose proof Hok as [Hc Ho]. destruct H as [h s Hn|adm h s refs' r Hown E|mem adm inh s ps refs' Hown Hp E|h s refs' last Hown E].
  - assert (owners s h = 0) as Hz by (specialize (Hc h); rewrite Ho in Hn; case_match; lia).
    split; simpl; intros k; destruct (decide (h = k)) as [<-|Hne].
    + specialize (Hc h). rewrite Hz in Hc. unfold bump. rewrite Z.eqb_refl. case_match; lia.
    + rewrite bump_other by done. apply Hc.
    + unfold bump. rewrite Z.eqb_refl. split; [lia|set_solver].
    + rewrite bump_other by done. rewrite <- Ho. set_solver.
  - by eapply share_ok.
  - destruct (fork_ok _ _ _ _ _ _ Hok Hown Hp) as (r & E' & ?).
    by assert (r = refs') as -> by congruence.
  - destruct (close_ok s h Hok Hown) as (r & l & E' & _ & ?).
    by assert (r = refs' /\ l = last) as [-> ->] by (split; congruence).
Qed.

Lemma reachable_handles_ok size s : rtc (handle_step size) initial_handles s -> handles_ok s.
Proof.
  intros H. assert (handles_ok initial_handles) as H0 by (split; simpl; intros h; [rewrite lookup_empty; lia|split; [set_solver|lia]]).
  revert H0. induction H; eauto using handle_step_ok.
Qed.

(** A host handle is closed by its last owner and by nobody else. However host
    opens, sharing by messages, forks and closes follow one another, the host
    has a handle open exactly as long as somebody owns it: a close never
    panics, and it tells its caller to close the handle at the host, where the
    handle is then open, exactly when the caller is the only owner. A fork
    whose references were prepared publishes them without panicking. *)
Theorem host_handle_closed_by_last_owner size s : rtc (handle_step size) initial_handles s ->
  (forall h, h ∈ host_open s <-> 0 < owners s h)
  /\ (forall h, 0 < owners s h -> exists refs', host_handle_close_ref h (refs s)
                                  = Some (refs', bool_decide (owners s h = 1)))
  /\ (forall mem admitted inherited ps, (forall h, In h inherited -> 0 < owners s h) ->
        prepare_host_handle_refs size mem admitted (refs s) inherited = Some (Ok ps) ->
        exists refs', publish_refs ps (refs s) = Some refs').
Proof.
  intros Hok%reachable_handles_ok. split_and!.
  - apply Hok.
  - intros h Hown. destruct (close_ok s h Hok Hown) as (r & l & E & -> & _). by exists r.
  - intros mem admitted inherited ps Hown Hp. destruct (fork_ok _ _ _ _ _ _ Hok Hown Hp) as (r & E & _). by exists r.
Qed.

(** Handle 5 opened and shared once. *)
Definition witness_opened : HandleState := mkHandles ∅ (bump (fun _ => 0) 5 1) ({[5]} ∪ ∅).
Definition witness_handles : HandleState :=
  mkHandles (<[5 := 2]> ∅) (bump (owners witness_opened) 5 1) (host_open witness_opened).

Lemma witness_handles_reachable : rtc (handle_step 24) initial_handles witness_handles.
Proof.
  apply (rtc_l _ _ witness_opened); [apply (handle_open 24 5 initial_handles), not_elem_of_empty|].
  apply rtc_once. refine (handle_share 24 true 5 witness_opened (<[5 := 2]> ∅) (Ok tt) _ _); reflexivity.
Qed.

Lemma host_handle_closed_by_last_owner_witness :
  exists refs', host_handle_close_ref 5 (<[5 := 2]> ∅) = Some (refs', false).
Proof.
  destruct (host_handle_closed_by_last_owner 24 witness_handles witness_handles_reachable) as (_ & H & _).
  apply (H 5). vm_compute. reflexivity.
Defined.
