(* ===== verification/Ofd.v ===== *)
(** * Open file descriptions (crates/runtime-core/src/ofd.rs)

    A process has a table of open file descriptions; descriptors name its
    slots. What POSIX calls the open file description, one offset, one set of
    status flags and one owner seen by every descriptor of it in every process,
    is a cell shared by counted pointers ([IoRc]). The model keeps the cells in
    a heap beside the tables, with the strong count of each, so that sharing
    by dup, fork, spawn and messages is aliasing of a location and the drop of
    the last pointer is a step that can be observed. *)

From S2P Require Import Prelude Lock Fd IoBuffer OfdRefs.

(** ** Data *)

Inductive FileType : Type :=
  | Regular | Directory | Pipe | CharDevice | Socket | EventFd | Epoll | TimerFd
  | SignalFd | MemFd | PtyMaster | PtySlave | PcmPlayback.

#[global] Instance FileType_eq_dec : EqDecision FileType.
Proof. solve_decision. Defined.

Definition O_APPEND : Z := 1024.
Definition O_NONBLOCK : Z := 2048.
Definition O_PATH : Z := 2097152.
Definition SETFL_MODIFIABLE : Z := Z.lor O_APPEND O_NONBLOCK.
Definition PROCFS_DIR_HANDLE : Z := -150.
Definition DEVFS_DIR_HANDLE : Z := -160.

(** The graphics state of a render node or card. *)
Record CmdbufBinding : Type := mkCmdbuf { addr : Z; cmdbuf_len : Z; submit_seq : Z }.

Record GlState : Type := mkGlState {
  initialized : bool;
  context_id : option Z;
  surface_id : option Z;
  current : bool;
  cmdbuf : option CmdbufBinding;
}.

Record PrimeBoState : Type := mkPrimeBo { bo_id : Z; cookie : Z }.

Record DriFdState : Type := mkDriFd {
  handles : gmap Z Z;          (** GEM handle to buffer object *)
  next_handle : Z;
  gl : option GlState;
}.

Record KmsFb : Type := mkKmsFb {
  fb_bo_id : Z; fb_width : Z; fb_height : Z; pixel_format : Z; fb_stride : Z;
}.

Record PendingFlip : Type := mkFlip { crtc_id : Z; flip_fb_id : Z; user_data : Z }.

Record KmsFdState : Type := mkKms {
  holds_master : bool;
  cursor_bo : option Z;
  fbs : gmap Z KmsFb;
  next_fb_id : Z;
  pending_flips : IoBuffer PendingFlip;
  event_ring : IoBuffer Z;
}.

Inductive DriOfdState : Type :=
  | PrimeBo (prime : PrimeBoState)
  | RenderNode (dri : DriFdState)
  | Card (dri : DriFdState) (kms : KmsFdState).

(** The evdev ring of an input device; [ring] is the location of the shared
    [InputRing]. *)
Definition INPUT_RING_MAX_RECORDS : Z := 1024.
Definition INPUT_RING_MAX_BYTES : Z := INPUT_RING_MAX_RECORDS * 24.

Record InputRing : Type := mkInputRing {
  input_events : list Z;
  dropped : bool;
  delivered_epoch : Z;
}.

Record InputFdState : Type := mkInputFd { device : Z; ring : Z }.

(** The cell that every descriptor of an open file description shares. *)
Record SharedOfdStateInner : Type := mkShared {
  cell_status_flags : Z;
  cell_offset : Z;
  cell_owner_pid : Z;
  cell_generation : Z;
  epoll_identity : option Z;
}.

Inductive OfdPath : Type := Empty | Root | Owned (path : list Z).

Record PendingDirEntry : Type := mkPendingDir { ino : Z; d_type : Z; entry_name : list Z }.

Record OpenFileDesc : Type := mkOfd {
  ofd_id : Z;
  file_id : option FileId;
  file_type : FileType;
  shared_state : Z;            (** location of the [SharedOfdStateInner] *)
  host_handle : Z;
  ref_count : Z;
  path : OfdPath;
  dir_host_handle : Z;
  dir_synth_state : Z;
  dir_entry_offset : Z;
  dir_position_generation : Z;
  dir_pending_entry : option PendingDirEntry;
  dri_state : option DriOfdState;
  input_state : option InputFdState;
}.

Inductive OfdSlot : Type := Free | Reserved | Open (value : OpenFileDesc).

Record OfdTable : Type := mkOfdTable { entries : IoBuffer OfdSlot }.

Record PreparedOfd : Type := mkPrepared { index : nat; value : OpenFileDesc }.

(** ** The machine around the tables *)

(** A shared cell and the number of pointers to it ([IoRc]). *)
Record Rc (A : Type) : Type := mkRc { strong : Z; cell : A }.
Arguments mkRc {A} strong cell.
Arguments strong {A} _.
Arguments cell {A} _.

(** What the drop of the last pointer tells epoll. *)
Inductive EpollCall : Type :=
  | NotifyDatagramCapacity (id events : Z)
  | Forget (id : Z).

Record World : Type := mkWorld {
  last_ofd_id : Z;                           (** [LAST_OFD_ID] *)
  orphan_check : bool;                       (** [ORPHANED_OFD_LOCK_CHECK] *)
  states : gmap Z (Rc SharedOfdStateInner);  (** the shared cells *)
  rings : gmap Z (Rc InputRing);             (** the shared input rings *)
  next_cell : Z;                             (** the next fresh location *)
  epoll_calls : list EpollCall;              (** what epoll was told, in order *)
}.

Definition with_states (w : World) h :=
  mkWorld (last_ofd_id w) (orphan_check w) h (rings w) (next_cell w) (epoll_calls w).
Definition with_rings (w : World) h :=
  mkWorld (last_ofd_id w) (orphan_check w) (states w) h (next_cell w) (epoll_calls w).
Definition with_last (w : World) id :=
  mkWorld id (orphan_check w) (states w) (rings w) (next_cell w) (epoll_calls w).
Definition with_orphan_check (w : World) b :=
  mkWorld (last_ofd_id w) b (states w) (rings w) (next_cell w) (epoll_calls w).

Definition initial_world : World := mkWorld 0 false ∅ ∅ 0 [].

Definition allocate_ofd_id : op World Z := fun w =>
  match checked_add u64_max (last_ofd_id w) 1 with
  | Some id => Some (with_last w id, Ok id)
  | None => None
  end.

Definition observe_ofd_id (id : Z) : op World unit := fun w =>
  if id =? 0 then None else Some (with_last w (Z.max (last_ofd_id w) id), Ok tt).

Definition note_possibly_orphaned_ofd_locks (w : World) : World := with_orphan_check w true.
Definition take_orphaned_ofd_lock_check (w : World) : World * bool :=
  (with_orphan_check w false, orphan_check w).

(** ** Counted pointers *)

(** [IoRc::clone]; the count is a [usize] and overflowing it aborts. *)
Definition rc_clone {A} (l : Z) (heap : gmap Z (Rc A)) : option (gmap Z (Rc A)) :=
  match heap !! l with
  | Some rc =>
      if strong rc <? usize_max then Some (<[l := mkRc (strong rc + 1) (cell rc)]> heap) else None
  | None => None
  end.

(** The drop of a pointer: the heap without it, and the value when it was the
    last. *)
Definition rc_drop {A} (l : Z) (heap : gmap Z (Rc A)) : gmap Z (Rc A) * option A :=
  match heap !! l with
  | Some rc =>
      if strong rc =? 1 then (delete l heap, Some (cell rc))
      else (<[l := mkRc (strong rc - 1) (cell rc)]> heap, None)
  | None => (heap, None)
  end.

(** [EPOLLOUT | EPOLLWRNORM | EPOLLWRBAND]. *)
Definition capacity_events : Z := Z.lor (Z.lor 4 256) 512.

(** [SharedOfdStateInner::drop]. *)
Definition retire (inner : SharedOfdStateInner) : list EpollCall :=
  match epoll_identity inner with
  | Some id => [NotifyDatagramCapacity id capacity_events; Forget id]
  | None => []
  end.

Definition drop_state (l : Z) (w : World) : World :=
  let (heap, dead) := rc_drop l (states w) in
  mkWorld (last_ofd_id w) (orphan_check w) heap (rings w) (next_cell w)
    (epoll_calls w ++ match dead with Some inner => retire inner | None => [] end).

Definition drop_ring (l : Z) (w : World) : World := with_rings w (fst (rc_drop l (rings w))).

Definition clone_state (l : Z) : op World Z := fun w =>
  match rc_clone l (states w) with
  | Some heap => Some (with_states w heap, Ok l)
  | None => None
  end.

Definition clone_ring (l : Z) : op World Z := fun w =>
  match rc_clone l (rings w) with
  | Some heap => Some (with_rings w heap, Ok l)
  | None => None
  end.

(** [SharedOfdState::try_new]: a cell at a location not used before. *)
Definition try_new_state (admitted : bool) (status_flags offset owner_pid : Z) : op World Z := fun w =>
  if admitted then
    let l := next_cell w in
    Some (mkWorld (last_ofd_id w) (orphan_check w)
            (<[l := mkRc 1 (mkShared status_flags offset owner_pid 0 None)]> (states w))
            (rings w) (l + 1) (epoll_calls w), Ok l)
  else Some (w, Err ENOMEM).

(** [SharedInputRing::try_new]. *)
Definition try_new_ring (admitted : bool) : op World Z := fun w =>
  if admitted then
    let l := next_cell w in
    Some (mkWorld (last_ofd_id w) (orphan_check w) (states w)
            (<[l := mkRc 1 (mkInputRing [] false 0)]> (rings w)) (l + 1) (epoll_calls w), Ok l)
  else Some (w, Err ENOMEM).

(** The drop of a description drops its pointers. *)
Definition drop_ofd (o : OpenFileDesc) (w : World) : World :=
  let w := drop_state (shared_state o) w in
  match input_state o with Some input => drop_ring (ring input) w | None => w end.

Definition drop_slot (s : OfdSlot) (w : World) : World :=
  match s with Open o => drop_ofd o w | _ => w end.
Definition drop_slots (l : list OfdSlot) (w : World) : World := foldl (fun w s => drop_slot s w) w l.

(** ** The shared cell through a description *)

Definition inner (w : World) (o : OpenFileDesc) : option SharedOfdStateInner :=
  option_map cell (states w !! shared_state o).

(** A live description points to a cell; the readers are total on others. *)
Definition status_flags (w : World) (o : OpenFileDesc) : Z := from_option cell_status_flags 0 (inner w o).
Definition offset (w : World) (o : OpenFileDesc) : Z := from_option cell_offset 0 (inner w o).
Definition owner_pid (w : World) (o : OpenFileDesc) : Z := from_option cell_owner_pid 0 (inner w o).
Definition position_generation (w : World) (o : OpenFileDesc) : Z := from_option cell_generation 0 (inner w o).

Definition update_cell (f : SharedOfdStateInner -> SharedOfdStateInner) (o : OpenFileDesc) (w : World) : World :=
  with_states w (alter (fun rc => mkRc (strong rc) (f (cell rc))) (shared_state o) (states w)).

Definition set_status_flags_raw (value : Z) : OpenFileDesc -> World -> World :=
  update_cell (fun c => mkShared value (cell_offset c) (cell_owner_pid c) (cell_generation c) (epoll_identity c)).

(** A changed offset starts a new generation of positions. *)
Definition set_offset (value : Z) : OpenFileDesc -> World -> World :=
  update_cell (fun c => mkShared (cell_status_flags c) value (cell_owner_pid c)
    (if cell_offset c =? value then cell_generation c else wrapping_add 64 (cell_generation c) 1)
    (epoll_identity c)).

Definition set_owner_pid (value : Z) : OpenFileDesc -> World -> World :=
  update_cell (fun c => mkShared (cell_status_flags c) (cell_offset c) value (cell_generation c) (epoll_identity c)).

Definition mark_epoll_watched (o : OpenFileDesc) : World -> World :=
  update_cell (fun c => mkShared (cell_status_flags c) (cell_offset c) (cell_owner_pid c) (cell_generation c)
    (Some (ofd_id o))) o.

(** ** Paths *)

(** The root and the empty path need no memory. *)
Definition copy_path (admitted : bool) (p : list Z) : result OfdPath :=
  match p with
  | [] => Ok Empty
  | [47] => Ok Root
  | _ => if admitted then Ok (Owned p) else Err ENOMEM
  end.

Definition as_slice (p : OfdPath) : list Z :=
  match p with Empty => [] | Root => [47] | Owned path => path end.

(** [/dev/stdin], [/dev/stdout], [/dev/stderr]. *)
Definition stdio_paths : list (list Z) :=
  [[47; 100; 101; 118; 47; 115; 116; 100; 105; 110];
   [47; 100; 101; 118; 47; 115; 116; 100; 111; 117; 116];
   [47; 100; 101; 118; 47; 115; 116; 100; 101; 114; 114]].

Definition is_terminal (o : OpenFileDesc) : bool :=
  match file_type o with
  | PtyMaster | PtySlave => true
  | CharDevice => (0 <=? host_handle o) && bool_decide (as_slice (path o) ∈ stdio_paths)
  | _ => false
  end.

Definition is_path_only (w : World) (o : OpenFileDesc) : bool := has_flag (status_flags w o) O_PATH.

(** ** Directory iterators *)

Definition with_iterator (o : OpenFileDesc) (handle synth entry_offset generation : Z)
    (pending : option PendingDirEntry) : OpenFileDesc :=
  mkOfd (ofd_id o) (file_id o) (file_type o) (shared_state o) (host_handle o) (ref_count o) (path o)
    handle synth entry_offset generation pending (dri_state o) (input_state o).

(** The iterator of a descriptor that crossed a process boundary starts over
    at the shared position. *)
Definition reset_directory_iterator_for_reopen (w : World) (o : OpenFileDesc) : OpenFileDesc :=
  if bool_decide (file_type o <> Directory) then o
  else
    let position := Z.max (offset w o) 0 in
    with_iterator o
      (if (host_handle o =? PROCFS_DIR_HANDLE) || (host_handle o =? DEVFS_DIR_HANDLE)
       then host_handle o else -1)
      (Z.min position 2) position (position_generation w o) None.

Definition directory_iterator_is_stale (w : World) (o : OpenFileDesc) : bool :=
  bool_decide (file_type o = Directory) && negb (dir_position_generation o =? position_generation w o).

Definition set_directory_offset (value : Z) (o : OpenFileDesc) (w : World) : World * OpenFileDesc :=
  let w := set_offset value o w in
  (w, with_iterator o (dir_host_handle o) (dir_synth_state o) (dir_entry_offset o)
        (position_generation w o) (dir_pending_entry o)).

(** ** Device state of a description *)

(** [PreparedMap::try_clone_io]: a map entry per key, each admitted. *)
Definition try_clone_map {A} (admitted : bool) (m : gmap Z A) : result (gmap Z A) :=
  if bool_decide (map_to_list m = []) || admitted then Ok m else Err ENOMEM.

Definition try_clone_dri_fd (admitted : bool) (d : DriFdState) : result DriFdState :=
  let? copy := try_clone_map admitted (handles d) in
  Ok (mkDriFd copy (next_handle d) (gl d)).

Section Devices.
Variable size_of_flip : Z.

Definition prepare_flip (mem1 mem2 : Memory) : op KmsFdState unit := fun k =>
  match try_reserve size_of_flip mem1 1 (pending_flips k) with
  | None => None
  | Some (flips, r) =>
      let k1 := mkKms (holds_master k) (cursor_bo k) (fbs k) (next_fb_id k) flips (event_ring k) in
      match r with
      | Err e => Some (k1, Err e)
      | Ok _ =>
          match (match checked_add usize_max (len flips) 1 with
                 | Some n => checked_mul usize_max n 32
                 | None => None
                 end) with
          | None => Some (k1, Err ENOMEM)
          | Some bytes =>
              match deque_try_reserve 1 mem2 bytes (event_ring k1) with
              | None => None
              | Some (events, r) =>
                  Some (mkKms (holds_master k) (cursor_bo k) (fbs k) (next_fb_id k) flips events, r)
              end
          end
      end
  end.

(** [IoDeque::try_clone_with_headroom]. *)
Definition try_clone_events (mem : Memory) (additional : Z) (b : IoBuffer Z)
    : option (result (IoBuffer Z)) :=
  match checked_add usize_max (len b) additional with
  | None => Some (Err ENOMEM)
  | Some want => build (do! _ <- deque_try_reserve 1 mem want; extend_from_slice (values b))
  end.

Definition try_clone_kms (admitted : bool) (mem1 mem2 : Memory) (k : KmsFdState)
    : option (result KmsFdState) :=
  match checked_mul usize_max (len (pending_flips k)) 32 with
  | None => Some (Err ENOMEM)
  | Some pending_bytes =>
      match try_clone_map admitted (fbs k) with
      | Err e => Some (Err e)
      | Ok fbs' =>
          match copy_from size_of_flip mem1 (values (pending_flips k)) with
          | None => None
          | Some (Err e) => Some (Err e)
          | Some (Ok flips) =>
              match try_clone_events mem2 pending_bytes (event_ring k) with
              | None => None
              | Some (Err e) => Some (Err e)
              | Some (Ok events) =>
                  Some (Ok (mkKms (holds_master k) (cursor_bo k) fbs' (next_fb_id k) flips events))
              end
          end
      end
  end.

(** What the clone of one description meets: the admission of the two maps,
    the memory of the two buffers and of the two boxes. *)
Record CloneMemory : Type := mkCloneMemory {
  handles_admitted : bool;
  fbs_admitted : bool;
  flips_memory : Memory;
  events_memory : Memory;
  dri_box : bool;
  input_box : bool;
}.

Definition try_clone_dri (mem : CloneMemory) (d : DriOfdState) : option (result DriOfdState) :=
  match d with
  | PrimeBo prime => Some (Ok (PrimeBo prime))
  | RenderNode dri =>
      Some (let? copy := try_clone_dri_fd (handles_admitted mem) dri in Ok (RenderNode copy))
  | Card dri kms =>
      match try_clone_dri_fd (handles_admitted mem) dri with
      | Err e => Some (Err e)
      | Ok dri' =>
          match try_clone_kms (fbs_admitted mem) (flips_memory mem) (events_memory mem) kms with
          | None => None
          | Some (Err e) => Some (Err e)
          | Some (Ok kms') => Some (Ok (Card dri' kms'))
          end
      end
  end.

(** [IoBox::try_new] of the copy. *)
Definition clone_dri_box (mem : CloneMemory) (d : option DriOfdState)
    : option (result (option DriOfdState)) :=
  match d with
  | None => Some (Ok None)
  | Some d =>
      match try_clone_dri mem d with
      | None => None
      | Some (Err e) => Some (Err e)
      | Some (Ok copy) => Some (if dri_box mem then Ok (Some copy) else Err ENOMEM)
      end
  end.

(** A refused box drops the pointer to the ring that was cloned for it. *)
Definition clone_input_box (mem : CloneMemory) (i : option InputFdState)
    : op World (option InputFdState) := fun w =>
  match i with
  | None => Some (w, Ok None)
  | Some input =>
      match clone_ring (ring input) w with
      | None => None
      | Some (w1, _) =>
          if input_box mem then Some (w1, Ok (Some input)) else Some (drop_ring (ring input) w1, Err ENOMEM)
      end
  end.

Definition with_sidecars (o : OpenFileDesc) (dri : option DriOfdState) (input : option InputFdState)
    : OpenFileDesc :=
  mkOfd (ofd_id o) (file_id o) (file_type o) (shared_state o) (host_handle o) (ref_count o) (path o)
    (dir_host_handle o) (dir_synth_state o) (dir_entry_offset o) (dir_position_generation o)
    None dri input.

(** [OpenFileDesc::try_clone]: the copy points to the same cell and ring. *)
Definition try_clone_ofd (mem : CloneMemory) (o : OpenFileDesc) : op World OpenFileDesc := fun w =>
  match clone_dri_box mem (dri_state o) with
  | None => None
  | Some (Err e) => Some (w, Err e)
  | Some (Ok dri) =>
      (do! input <- clone_input_box mem (input_state o);
       do! _ <- clone_state (shared_state o);
       do! w <- op_get id;
       op_ret (reset_directory_iterator_for_reopen w (with_sidecars o dri input))) w
  end.

Definition dri (o : OpenFileDesc) : option DriFdState :=
  match dri_state o with
  | Some (RenderNode d) | Some (Card d _) => Some d
  | _ => None
  end.

Definition prime_bo (o : OpenFileDesc) : option PrimeBoState :=
  match dri_state o with Some (PrimeBo p) => Some p | _ => None end.

Definition take_prime_bo (o : OpenFileDesc) : OpenFileDesc * option PrimeBoState :=
  match dri_state o with
  | Some (PrimeBo p) =>
      (mkOfd (ofd_id o) (file_id o) (file_type o) (shared_state o) (host_handle o) (ref_count o) (path o)
         (dir_host_handle o) (dir_synth_state o) (dir_entry_offset o) (dir_position_generation o)
         (dir_pending_entry o) None (input_state o), Some p)
  | _ => (o, None)
  end.

Definition kms (o : OpenFileDesc) : option KmsFdState :=
  match dri_state o with Some (Card _ k) => Some k | _ => None end.
End Devices.

(** The evdev ring. *)
Definition ring_push_back (value : Z) (r : InputRing) : option InputRing :=
  if lenZ (input_events r) <? INPUT_RING_MAX_BYTES
  then Some (mkInputRing (input_events r ++ [value]) (dropped r) (delivered_epoch r))
  else None.

Definition ring_pop_front (r : InputRing) : InputRing * option Z :=
  match input_events r with
  | [] => (r, None)
  | v :: rest => (mkInputRing rest (dropped r) (delivered_epoch r), Some v)
  end.

(** A fanned-out event reaches a ring once per epoch. *)
Definition begin_delivery (epoch : Z) (r : InputRing) : InputRing * bool :=
  if delivered_epoch r =? epoch then (r, false)
  else (mkInputRing (input_events r) (dropped r) epoch, true).

(** ** The table of a process *)

(** A method of a table runs beside the machine's cells. *)
Abbreviation TableState := (World * OfdTable)%type.

Definition on_world {A} (m : op World A) : op TableState A := fun s =>
  match m (fst s) with
  | Some (w, r) => Some ((w, snd s), r)
  | None => None
  end.

Definition on_entries {A} (m : op (IoBuffer OfdSlot) A) : op TableState A := fun s =>
  match m (entries (snd s)) with
  | Some (b, r) => Some ((fst s, mkOfdTable b), r)
  | None => None
  end.

Definition new_ofd_table : OfdTable := mkOfdTable new.

Definition slots_of (t : OfdTable) : list OfdSlot := values (entries t).

Definition is_free (s : OfdSlot) : bool := match s with Free => true | _ => false end.
Definition is_reserved (s : OfdSlot) : bool := match s with Reserved => true | _ => false end.

Definition get (t : OfdTable) (idx : nat) : option OpenFileDesc :=
  match slots_of t !! idx with Some (Open value) => Some value | _ => None end.

(** Assign a slot in range; the old slot is dropped by the caller. *)
Definition set_slot (idx : nat) (s : OfdSlot) (t : OfdTable) : OfdTable :=
  mkOfdTable (mkIoBuffer (<[idx := s]> (slots_of t)) (capacity (entries t))).

(** [iter]: the open descriptions with their indices. *)
Definition iter (t : OfdTable) : list (nat * OpenFileDesc) :=
  omap (fun entry => match snd entry with Open value => Some (fst entry, value) | _ => None end)
    (imap pair (slots_of t)).

Section Table.
Variable size_of_slot size_of_flip : Z.

(** A refused slot drops the description. *)
Definition reserve (mem : Memory) (value : OpenFileDesc) : op TableState PreparedOfd := fun s =>
  match position is_free (slots_of (snd s)) with
  | Some index => Some ((fst s, set_slot index Reserved (snd s)), Ok (mkPrepared index value))
  | None =>
      let index := length (slots_of (snd s)) in
      match on_entries (try_push size_of_slot mem Reserved) s with
      | None => None
      | Some (s', Ok _) => Some (s', Ok (mkPrepared index value))
      | Some ((w, t), Err e) => Some ((drop_ofd value w, t), Err e)
      end
  end.

Definition prepare (path_admitted state_admitted : bool) (mem : Memory) (kind : FileType)
    (flags : Z) (name : list Z) : op TableState PreparedOfd :=
  do! p <- op_lift (copy_path path_admitted name);
  do! state <- on_world (try_new_state state_admitted flags 0 0);
  do! id <- on_world allocate_ofd_id;
  reserve mem (mkOfd id None kind state (-1) 1 p (-1) 0 0 0 None None None).

(** The queued message already owns the pointer to the cell and the reference
    to the backing. *)
Definition prepare_transferred (mem : Memory) (id : Z) (file : option FileId) (kind : FileType)
    (handle : Z) (state : Z) (p : OfdPath) : op TableState PreparedOfd :=
  do! _ <- on_world (observe_ofd_id id);
  do! w <- op_get fst;
  reserve mem (reset_directory_iterator_for_reopen w
    (mkOfd id file kind state handle 1 p (-1) 0 0 0 None None None)).

Definition with_host_handle (o : OpenFileDesc) (handle : Z) : OpenFileDesc :=
  mkOfd (ofd_id o) (file_id o) (file_type o) (shared_state o) handle (ref_count o) (path o)
    (dir_host_handle o) (dir_synth_state o) (dir_entry_offset o) (dir_position_generation o)
    (dir_pending_entry o) (dri_state o) (input_state o).

Definition publish (prepared : PreparedOfd) (handle : Z) : op TableState nat := fun s =>
  match slots_of (snd s) !! index prepared with
  | Some Reserved =>
      Some ((fst s, set_slot (index prepared) (Open (with_host_handle (value prepared) handle)) (snd s)),
            Ok (index prepared))
  | _ => None
  end.

Definition cancel (prepared : PreparedOfd) : op TableState unit := fun s =>
  match slots_of (snd s) !! index prepared with
  | Some Reserved => Some ((drop_ofd (value prepared) (fst s), set_slot (index prepared) Free (snd s)), Ok tt)
  | _ => None
  end.

Definition with_ref_count (o : OpenFileDesc) (n : Z) : OpenFileDesc :=
  mkOfd (ofd_id o) (file_id o) (file_type o) (shared_state o) (host_handle o) n (path o)
    (dir_host_handle o) (dir_synth_state o) (dir_entry_offset o) (dir_position_generation o)
    (dir_pending_entry o) (dri_state o) (input_state o).

(** [inc_ref] panics when the count overflows. *)
Definition inc_ref (idx : nat) (t : OfdTable) : option OfdTable :=
  match get t idx with
  | None => Some t
  | Some o =>
      match checked_add u32_max (ref_count o) 1 with
      | Some n => Some (set_slot idx (Open (with_ref_count o n)) t)
      | None => None
      end
  end.

Definition try_inc_ref_exact (idx : nat) (id : Z) (t : OfdTable) : OfdTable * result unit :=
  let? o := ok_or (get t idx) EBADF orelse t in
  if negb (ofd_id o =? id) then (t, Err EBADF)
  else
    let? n := ok_or (checked_add u32_max (ref_count o) 1) EOVERFLOW orelse t in
    (set_slot idx (Open (with_ref_count o n)) t, Ok tt).

(** [dec_ref]: whether the description was freed. The subtraction panics on a
    count of zero. *)
Definition dec_ref (idx : nat) (s : TableState) : option (TableState * bool) :=
  match get (snd s) idx with
  | None => Some (s, false)
  | Some o =>
      if ref_count o =? 0 then None
      else
        let o' := with_ref_count o (ref_count o - 1) in
        if ref_count o' =? 0
        then Some ((drop_ofd o' (fst s), set_slot idx Free (snd s)), true)
        else Some ((fst s, set_slot idx (Open o') (snd s)), false)
  end.

(** F_SETFL: only [O_APPEND] and [O_NONBLOCK] change. *)
Definition set_status_flags (idx : nat) (new_flags : Z) (s : TableState) : TableState :=
  match get (snd s) idx with
  | None => s
  | Some o =>
      let preserved := Z.land (status_flags (fst s) o) (Z.lxor SETFL_MODIFIABLE u32_max) in
      let updated := Z.land new_flags SETFL_MODIFIABLE in
      (set_status_flags_raw (Z.lor preserved updated) o (fst s), snd s)
  end.

(** ** Tables across processes *)

(** [InheritedOfdRefs]: how many descriptors of a table name each slot. *)
Record InheritedOfdRefs : Type := mkInherited { counts : counted; descriptor_count : Z }.

Definition not_excluded (excluded_flags : Z) (fds : FdTable) : list FdEntry :=
  List.filter (fun entry => Z.land (fd_flags entry) excluded_flags =? 0) (map snd (Fd.iter fds)).

(** The slot numbers pushed, refusing a dangling one. *)
Fixpoint live_slots (t : OfdTable) (refs : list Z) : result (list Z) :=
  match refs with
  | [] => Ok []
  | slot :: refs' =>
      match get t (Z.to_nat slot) with
      | None => Err EBADF
      | Some _ => let? rest := live_slots t refs' in Ok (slot :: rest)
      end
  end.

Definition prepare_with_executable (size_of_count : Z) (mem : Memory) (t : OfdTable) (fds : FdTable)
    (excluded_flags : Z) (executable : option Z) : option (result InheritedOfdRefs) :=
  let inherited := not_excluded excluded_flags fds in
  match (let? reference_count :=
           ok_or (checked_add usize_max (lenZ inherited) (if executable then 1 else 0)) ENOMEM in
         let? buffer := allocate_io size_of_count mem reference_count in
         let? slots := live_slots t (map ofd_ref inherited ++ option_list executable) in
         Ok (buffer, slots)) with
  | Err e => Some (Err e)
  | Ok (buffer, slots) =>
      match extend_from_slice (map (fun slot => (slot, 1)) slots) buffer with
      | None => None
      | Some (filled, _) =>
          Some (let? merged := merge_runs (sort_by_key (values filled)) [] in
                Ok (mkInherited merged (lenZ inherited)))
      end
  end.

Definition prepare_inherited (size_of_count : Z) (mem : Memory) (t : OfdTable) (fds : FdTable)
    (excluded_flags : Z) : option (result InheritedOfdRefs) :=
  prepare_with_executable size_of_count mem t fds excluded_flags None.

Definition inherited_count (refs : InheritedOfdRefs) (slot : Z) : Z :=
  match search slot (counts refs) with
  | inl position => from_option snd 0 (counts refs !! position)
  | inr _ => 0
  end.

(** One pass over the slots from number [k] on. *)
Fixpoint retain_slots (refs : InheritedOfdRefs) (k : nat) (l : list OfdSlot) (w : World)
    : World * list OfdSlot :=
  match l with
  | [] => (w, [])
  | s :: l' =>
      let '(w1, s') :=
        match s with
        | Open o =>
            let n := inherited_count refs (Z.of_nat k) in
            if 0 <? n then (w, Open (with_ref_count o n)) else (drop_ofd o w, Free)
        | _ => (w, s)
        end in
      let (w2, rest) := retain_slots refs (S k) l' w1 in
      (w2, s' :: rest)
  end.

Definition retain_fd_references (size_of_count : Z) (mem : Memory) (fds : FdTable)
    : op TableState unit := fun s =>
  match prepare_inherited size_of_count mem (snd s) fds 0 with
  | None => None
  | Some (Err e) => Some (s, Err e)
  | Some (Ok refs) =>
      let (w, l) := retain_slots refs 0 (slots_of (snd s)) (fst s) in
      Some ((w, mkOfdTable (mkIoBuffer l (capacity (entries (snd s))))), Ok tt)
  end.

(** The copies of the slots from number [k] on, [done] the copies made so far;
    a failure drops them. [mems] is what the clone of each slot meets. *)
Fixpoint clone_slots (mems : nat -> CloneMemory) (k : nat) (l done : list OfdSlot)
    : op World (list OfdSlot) := fun w =>
  match l with
  | [] => Some (w, Ok done)
  | Open o :: l' =>
      match try_clone_ofd size_of_flip (mems k) o w with
      | None => None
      | Some (w1, Ok o') => clone_slots mems (S k) l' (done ++ [Open o']) w1
      | Some (w1, Err e) => Some (drop_slots done w1, Err e)
      end
  | _ :: l' => clone_slots mems (S k) l' (done ++ [Free]) w
  end.

Definition try_clone (mem : Memory) (mems : nat -> CloneMemory) (t : OfdTable) : op World OfdTable := fun w =>
  match build (reserve_with size_of_slot mem (lenZ (slots_of t))) with
  | None => None
  | Some (Err e) => Some (w, Err e)
  | Some (Ok buffer) =>
      match clone_slots mems 0 (slots_of t) [] w with
      | None => None
      | Some (w', Err e) => Some (w', Err e)
      | Some (w', Ok l) =>
          match extend_from_slice l buffer with
          | Some (b, _) => Some (w', Ok (mkOfdTable b))
          | None => None
          end
      end
  end.

(** [try_from_raw]: the identities of the entries are observed in order. *)
Fixpoint observe_all (l : list (option OpenFileDesc)) : op World unit :=
  match l with
  | [] => op_ret tt
  | Some o :: l' => do! _ <- observe_ofd_id (ofd_id o); observe_all l'
  | None :: l' => observe_all l'
  end.

Definition slot_of_raw (o : option OpenFileDesc) : OfdSlot :=
  match o with Some value => Open value | None => Free end.

Definition try_from_raw (mem : Memory) (raw : list (option OpenFileDesc)) : op World OfdTable := fun w =>
  match build (reserve_with size_of_slot mem (lenZ raw)) with
  | None => None
  | Some (Err e) => Some (drop_slots (map slot_of_raw raw) w, Err e)
  | Some (Ok buffer) =>
      (do! _ <- observe_all raw;
       match extend_from_slice (map slot_of_raw raw) buffer with
       | Some (b, _) => op_ret (mkOfdTable b)
       | None => op_panic
       end) w
  end.

(** [link_shared_state]: the pointer to the source's cell replaces the one
    rebuilt by deserialisation. *)
Definition link_shared_state (state : Z) (o : OpenFileDesc) (w : World) : World * OpenFileDesc :=
  let w1 := drop_state (shared_state o) w in
  let o1 := mkOfd (ofd_id o) (file_id o) (file_type o) state (host_handle o) (ref_count o) (path o)
    (dir_host_handle o) (dir_synth_state o) (dir_entry_offset o) (dir_position_generation o)
    (dir_pending_entry o) (dri_state o) (input_state o) in
  (w1, reset_directory_iterator_for_reopen w1 o1).

(** The child's ring is replaced by the parent's. *)
Definition link_ring (source o : OpenFileDesc) : op World OpenFileDesc := fun w =>
  match input_state o, input_state source with
  | Some child_input, Some source_input =>
      match clone_ring (ring source_input) w with
      | None => None
      | Some (w1, _) =>
          Some (drop_ring (ring child_input) w1,
                Ok (mkOfd (ofd_id o) (file_id o) (file_type o) (shared_state o) (host_handle o) (ref_count o)
                     (path o) (dir_host_handle o) (dir_synth_state o) (dir_entry_offset o)
                     (dir_position_generation o) (dir_pending_entry o) (dri_state o)
                     (Some (mkInputFd (device child_input) (ring source_input)))))
      end
  | _, _ => Some (w, Ok o)
  end.

Definition link_one (source : OpenFileDesc) (o : OpenFileDesc) : op World OpenFileDesc := fun w =>
  match clone_state (shared_state source) w with
  | None => None
  | Some (w1, _) =>
      let (w2, o1) := link_shared_state (shared_state source) o w1 in
      link_ring source o1 w2
  end.

(** Slots from number [k] on; an early return leaves the rest as it is. *)
Fixpoint link_slots (source : OfdTable) (k : nat) (l : list OfdSlot) (w : World)
    : option (World * list OfdSlot * result unit) :=
  match l with
  | [] => Some (w, [], Ok tt)
  | Open o :: l' =>
      match get source k with
      | None => Some (w, l, Err EINVAL)
      | Some source_ofd =>
          if negb (ofd_id source_ofd =? ofd_id o) then Some (w, l, Err EINVAL)
          else
            match link_one source_ofd o w with
            | Some (w1, Ok o') =>
                match link_slots source (S k) l' w1 with
                | Some (w2, rest, r) => Some (w2, Open o' :: rest, r)
                | None => None
                end
            | Some (w1, Err e) => Some (w1, l, Err e)
            | None => None
            end
      end
  | s :: l' =>
      match link_slots source (S k) l' w with
      | Some (w2, rest, r) => Some (w2, s :: rest, r)
      | None => None
      end
  end.

Definition link_shared_states_from (source : OfdTable) : op TableState unit := fun s =>
  match link_slots source 0 (slots_of (snd s)) (fst s) with
  | Some (w, l, r) => Some ((w, mkOfdTable (mkIoBuffer l (capacity (entries (snd s))))), r)
  | None => None
  end.

(** [restore_entry], for deserialisation; a refused description is dropped. *)
Definition restore_entry (mem1 mem2 : Memory) (idx : nat) (o : OpenFileDesc) : op TableState unit := fun s =>
  let fail (s' : TableState) e := Some ((drop_ofd o (fst s'), snd s'), Err e) in
  match checked_add usize_max (Z.of_nat idx) 1 with
  | None => fail s ENOMEM
  | Some length =>
      let cap := capacity (entries (snd s)) in
      match (if length <=? cap then Some (s, Ok tt)
             else on_entries (op_match (reserve_with size_of_slot mem1
                                (Z.max (Z.max length (saturating_mul usize_max cap 2)) 4))
                              op_ret (fun _ => reserve_with size_of_slot mem2 length)) s) with
      | None => None
      | Some (s1, Err e) => fail s1 e
      | Some (s1, Ok _) =>
          match (if lenZ (slots_of (snd s1)) <? length
                 then on_entries (resize length Free) s1 else Some (s1, Ok tt)) with
          | None => None
          | Some (s2, Err e) => fail s2 e
          | Some (s2, Ok _) =>
              match slots_of (snd s2) !! idx with
              | Some Free =>
                  match observe_ofd_id (ofd_id o) (fst s2) with
                  | None => None
                  | Some (w, _) => Some ((w, set_slot idx (Open o) (snd s2)), Ok tt)
                  end
              | Some _ => fail s2 EINVAL
              | None => None
              end
          end
      end
  end.
End Table.

(** ** Host handles of a table *)

Definition inherited_host_handle (o : OpenFileDesc) : option Z :=
  if (0 <=? host_handle o)
     && bool_decide (file_type o ∈ [Regular; Directory; CharDevice; Pipe])
  then Some (host_handle o) else None.

Definition inherited_host_handles (t : OfdTable) : list Z :=
  omap inherited_host_handle (map snd (iter t)).
