(* ===== verification/OfdInv.v ===== *)
(** * Shared cells and their pointers

    The invariant of the machine's cells: every cell has as many pointers as
    its strong count says, it is there as long as there is one, and the
    descriptions with one identity are exactly those that share one cell. It is
    stated over the multiset of the live descriptions' pointers, so that each
    operation is an insertion, a removal or a permutation of that multiset. *)

From S2P Require Import Prelude Lock Fd IoBuffer OfdRefs Ofd.

(** ** Counted pointers *)

Section Heap.
Context {A : Type}.
Implicit Types (heap : gmap Z (Rc A)) (ptrs : list Z).

Definition heap_exact heap ptrs : Prop := forall l,
  match heap !! l with
  | Some rc => strong rc = occurrences l ptrs /\ 1 <= strong rc
  | None => occurrences l ptrs = 0
  end.

Definition cell_at heap (l : Z) : option A := option_map cell (heap !! l).

Lemma occurrences_cons l x ptrs : occurrences l (x :: ptrs) = (if l =? x then 1 else 0) + occurrences l ptrs.
Proof. unfold occurrences. simpl. destruct (l =? x); simpl; lia. Qed.

Lemma occurrences_app l k m : occurrences l (k ++ m) = occurrences l k + occurrences l m.
Proof. unfold occurrences. rewrite List.filter_app, length_app. lia. Qed.

Lemma occurrences_perm l k m : k ≡ₚ m -> occurrences l k = occurrences l m.
Proof. induction 1; rewrite ?occurrences_cons; lia. Qed.

Lemma occurrences_zero l ptrs : occurrences l ptrs = 0 <-> ~ In l ptrs.
Proof. rewrite <- occurrences_pos. pose proof (occurrences_nonneg l ptrs). lia. Qed.

Lemma heap_exact_perm heap k m : k ≡ₚ m -> heap_exact heap k -> heap_exact heap m.
Proof. intros Hp H l. specialize (H l). by rewrite <- (occurrences_perm l k m Hp). Qed.

Lemma heap_exact_cell heap ptrs l : heap_exact heap ptrs -> In l ptrs -> exists v, cell_at heap l = Some v.
Proof.
  intros H Hin%occurrences_pos. specialize (H l). unfold cell_at. destruct (heap !! l) as [rc|]; [by eexists|lia].
Qed.

Lemma heap_exact_clone heap ptrs l heap' : heap_exact heap ptrs -> rc_clone l heap = Some heap' ->
  heap_exact heap' (l :: ptrs) /\ forall k, cell_at heap' k = cell_at heap k.
Proof.
  intros H. unfold rc_clone. destruct (heap !! l) as [rc|] eqn:El; [|done]. destruct (_ <? _); [|done]. intros [= <-].
  split; intros k.
  - specialize (H k). rewrite occurrences_cons. destruct (Z.eqb_spec k l) as [->|].
    + rewrite lookup_insert_eq. rewrite El in H. simpl. lia.
    + rewrite lookup_insert_ne by done. case_match; simpl; lia.
  - unfold cell_at. destruct (decide (k = l)) as [->|]; [by rewrite lookup_insert_eq, El|by rewrite lookup_insert_ne].
Qed.

(** A drop keeps the cells of the remaining pointers; it returns the value of
    the cell exactly when no pointer remains. *)
Lemma heap_exact_drop heap ptrs l : heap_exact heap (l :: ptrs) ->
  heap_exact (fst (rc_drop l heap)) ptrs
  /\ (forall k, In k ptrs -> cell_at (fst (rc_drop l heap)) k = cell_at heap k)
  /\ snd (rc_drop l heap) = (if 0 <? occurrences l ptrs then None else cell_at heap l)
  /\ (forall k, is_Some (fst (rc_drop l heap) !! k) -> is_Some (heap !! k)).
Proof.
  intros H. pose proof (H l) as Hl. rewrite occurrences_cons, Z.eqb_refl in Hl. unfold rc_drop.
  pose proof (occurrences_nonneg l ptrs). destruct (heap !! l) as [rc|] eqn:El; [|lia].
  assert (forall k, k <> l -> occurrences k (l :: ptrs) = occurrences k ptrs) as Hne.
  { intros k Hk. rewrite occurrences_cons. by rewrite (proj2 (Z.eqb_neq k l) Hk). }
  destruct (Z.eqb_spec (strong rc) 1) as [H1|H1]; cbn [fst snd].
  - assert (~ In l ptrs) as Hnin by (rewrite <- occurrences_zero; lia). split_and!.
    + intros k. destruct (decide (k = l)) as [->|Hk]; [rewrite lookup_delete_eq; lia|].
      rewrite lookup_delete_ne by done. rewrite <- Hne by done. apply H.
    + intros k Hk. unfold cell_at. rewrite lookup_delete_ne; [done|]. by intros <-.
    + rewrite (proj2 (Z.ltb_ge _ _)) by lia. unfold cell_at. by rewrite El.
    + intros k [x Hx]. apply lookup_delete_Some in Hx as [_ Hx]. by eexists.
  - assert (In l ptrs) as Hin by (apply occurrences_pos; lia). split_and!.
    + intros k. destruct (decide (k = l)) as [->|Hk]; [rewrite lookup_insert_eq; simpl; lia|].
      rewrite lookup_insert_ne by done. rewrite <- Hne by done. apply H.
    + intros k _. unfold cell_at. destruct (decide (k = l)) as [->|]; [by rewrite lookup_insert_eq, El|by rewrite lookup_insert_ne].
    + by rewrite (proj2 (Z.ltb_lt _ _)) by lia.
    + intros k. destruct (decide (k = l)) as [->|]; [by rewrite El|by rewrite lookup_insert_ne].
Qed.

Lemma heap_exact_new heap ptrs l v : heap_exact heap ptrs -> heap !! l = None ->
  heap_exact (<[l := mkRc 1 v]> heap) (l :: ptrs) /\ forall k, k <> l -> cell_at (<[l := mkRc 1 v]> heap) k = cell_at heap k.
Proof.
  intros H Hl. pose proof (H l) as H0. rewrite Hl in H0. split; intros k.
  - rewrite occurrences_cons. destruct (Z.eqb_spec k l) as [->|]; [rewrite lookup_insert_eq; simpl; lia|].
    rewrite lookup_insert_ne by done. apply H.
  - intros Hk. unfold cell_at. by rewrite lookup_insert_ne.
Qed.

Lemma heap_exact_alter heap ptrs l f : heap_exact heap ptrs ->
  heap_exact (alter (fun rc => mkRc (strong rc) (f (cell rc))) l heap) ptrs.
Proof.
  intros H k. specialize (H k). destruct (decide (k = l)) as [->|Hk].
  - rewrite lookup_alter_eq. by destruct (heap !! l).
  - by rewrite lookup_alter_ne.
Qed.

Lemma cell_at_alter heap l f k : cell_at (alter (fun rc => mkRc (strong rc) (f (cell rc))) l heap) k
  = if decide (k = l) then option_map f (cell_at heap k) else cell_at heap k.
Proof.
  unfold cell_at. case_decide as Hk; [subst k; rewrite lookup_alter_eq; by destruct (heap !! l)|by rewrite lookup_alter_ne].
Qed.

Lemma is_Some_alter heap l f k : is_Some (alter (fun rc : Rc A => mkRc (strong rc) (f (cell rc))) l heap !! k) <-> is_Some (heap !! k).
Proof.
  destruct (decide (k = l)) as [->|]; [rewrite lookup_alter_eq; by destruct (heap !! l); split; intros [? ?]|by rewrite lookup_alter_ne].
Qed.
End Heap.
#[global] Arguments heap_exact {A} heap ptrs.
#[global] Opaque rc_clone rc_drop.

(** ** Live descriptions *)

(** What a description is to the cells: its identity and its pointers. *)
Record Key : Type := mkKey { key_id : Z; key_state : Z; key_ring : option Z }.

Definition key (o : OpenFileDesc) : Key := mkKey (ofd_id o) (shared_state o) (option_map ring (input_state o)).

Definition state_ptrs (K : list Key) : list Z := map key_state K.
Definition ring_ptrs (K : list Key) : list Z := omap key_ring K.

Record cells_ok (w : World) (K : list Key) : Prop := {
  states_exact : heap_exact (states w) (state_ptrs K);
  rings_exact : heap_exact (rings w) (ring_ptrs K);
  cells_below : forall l, is_Some (states w !! l) \/ is_Some (rings w !! l) -> l < next_cell w;
}.

Record ids_ok (w : World) (K : list Key) : Prop := {
  ids_last : 0 <= last_ofd_id w;
  ids_range : forall k, In k K -> 0 < key_id k <= last_ofd_id w;
  ids_agree : forall a b, In a K -> In b K -> (key_id a = key_id b <-> key_state a = key_state b);
}.

(** A step that keeps the values of the cells of [K]. *)
Definition keeps (K : list Key) (w w' : World) : Prop :=
  (forall k, In k K -> cell_at (states w') (key_state k) = cell_at (states w) (key_state k))
  /\ (forall k l, In k K -> key_ring k = Some l -> cell_at (rings w') l = cell_at (rings w) l).

Lemma keeps_refl K w : keeps K w w.
Proof. done. Qed.

Lemma cells_keep_trans K w1 w2 w3 : keeps K w1 w2 -> keeps K w2 w3 -> keeps K w1 w3.
Proof.
  intros [H1 H2] [H3 H4]. split.
  - intros k Hk. rewrite H3 by done. auto.
  - intros k l Hk Hl. rewrite (H4 k l) by done. eauto.
Qed.

Lemma keeps_sub K K' w w' : (forall k, In k K' -> In k K) -> keeps K w w' -> keeps K' w w'.
Proof. intros Hs [H1 H2]. split; eauto. Qed.

Lemma cells_ok_perm w K K' : K ≡ₚ K' -> cells_ok w K -> cells_ok w K'.
Proof.
  intros Hp [H1 H2 H3]. split; [| |done]; eapply heap_exact_perm; [|done| |done].
  - by apply Permutation_map.
  - by apply omap_Permutation.
Qed.

Lemma in_ring_ptrs K k l : In k K -> key_ring k = Some l -> In l (ring_ptrs K).
Proof. intros Hk Hl. apply list_elem_of_In, list_elem_of_omap. exists k. by rewrite list_elem_of_In. Qed.

Lemma ring_ptrs_cons k K : ring_ptrs (k :: K) = option_list (key_ring k) ++ ring_ptrs K.
Proof. unfold ring_ptrs. simpl. by destruct (key_ring k). Qed.

(** ** Operations on the cells *)

(** The outcome of an operation on the cells: [K'] are the live descriptions,
    the cells of [kept] hold what they held, the identity counter does not go back. *)
Record moves (kept K' : list Key) (w w' : World) : Prop := {
  moves_cells : cells_ok w' K';
  moves_keeps : keeps kept w w';
  moves_last : last_ofd_id w <= last_ofd_id w';
}.

Lemma moves_refl K w : cells_ok w K -> moves K K w w.
Proof. by split. Qed.

Lemma moves_trans kept kept' K1 K2 w1 w2 w3 : (forall k, In k kept' -> In k kept) ->
  moves kept K1 w1 w2 -> moves kept' K2 w2 w3 -> moves kept' K2 w1 w3.
Proof.
  intros Hs [H1 H2 H3] [H4 H5 H6]. split; [done| |lia].
  eapply cells_keep_trans; [|done]. by eapply keeps_sub.
Qed.

Lemma moves_perm kept K K' w w' : K ≡ₚ K' -> moves kept K w w' -> moves kept K' w w'.
Proof. intros Hp [H1 H2 H3]. split; [by eapply cells_ok_perm|done|done]. Qed.

Lemma drop_state_spec w s r K : heap_exact (states w) (s :: state_ptrs K) -> heap_exact (rings w) r ->
  (forall l, is_Some (states w !! l) \/ is_Some (rings w !! l) -> l < next_cell w) ->
  let w' := drop_state s w in
  heap_exact (states w') (state_ptrs K) /\ rings w' = rings w
  /\ (forall l, is_Some (states w' !! l) \/ is_Some (rings w' !! l) -> l < next_cell w')
  /\ (forall k, In k (state_ptrs K) -> cell_at (states w') k = cell_at (states w) k)
  /\ last_ofd_id w' = last_ofd_id w
  /\ epoll_calls w' = epoll_calls w
       ++ (if 0 <? occurrences s (state_ptrs K) then [] else from_option retire [] (cell_at (states w) s)).
Proof.
  intros Hs Hr Hb. destruct (heap_exact_drop _ _ _ Hs) as (H1 & H2 & H3 & H4). unfold drop_state.
  destruct (rc_drop s (states w)) as [heap dead]. cbn [fst snd states rings next_cell last_ofd_id epoll_calls] in *.
  split_and!; try done.
  - intros l [Hl|Hl]; apply Hb; auto.
  - f_equal. subst dead. by destruct (0 <? _); [|destruct (cell_at _ _)].
Qed.

(** Dropping a description removes its pointers; epoll hears of it exactly
    when no other description shares the cell. *)
Lemma drop_ofd_spec o w K : cells_ok w (key o :: K) ->
  moves K K w (drop_ofd o w)
  /\ epoll_calls (drop_ofd o w) = epoll_calls w
       ++ (if 0 <? occurrences (shared_state o) (state_ptrs K) then []
           else from_option retire [] (inner w o)).
Proof.
  intros [H1 H2 H3]. unfold drop_ofd. cbn [state_ptrs map key_state key] in H1.
  destruct (drop_state_spec w (shared_state o) _ K H1 H2 H3) as (D1 & D2 & D3 & D4 & D5 & D6).
  rewrite ring_ptrs_cons in H2. cbn [key_ring key] in H2. unfold inner. fold (cell_at (states w) (shared_state o)).
  destruct (input_state o) as [i|]; cbn [option_map option_list app] in H2.
  - rewrite <- D2 in H2. destruct (heap_exact_drop _ _ _ H2) as (R1 & R2 & _ & R4).
    unfold drop_ring, with_rings. split; [|done]. split; [split|split|]; cbn [states rings next_cell last_ofd_id]; try (done || lia).
    + intros l [Hl|Hl]; apply D3; auto.
    + intros k Hk. apply D4. unfold state_ptrs. by apply in_map.
    + intros k l Hk Hl. rewrite R2; [by rewrite D2|]. by eapply in_ring_ptrs.
  - split; [|done]. split; [split|split|]; try (done || lia).
    + by rewrite D2.
    + intros k Hk. apply D4. unfold state_ptrs. by apply in_map.
    + intros k l Hk Hl. by rewrite D2.
Qed.

Definition slot_keys (l : list OfdSlot) : list Key :=
  omap (fun s => match s with Open o => Some (key o) | _ => None end) l.

Lemma slot_keys_app l k : slot_keys (l ++ k) = slot_keys l ++ slot_keys k.
Proof. apply omap_app. Qed.

Lemma drop_slots_spec l : forall w K, cells_ok w (slot_keys l ++ K) -> moves K K w (drop_slots l w).
Proof.
  unfold drop_slots. induction l as [|s l IH]; intros w K H; simpl in *; [by apply moves_refl|].
  destruct s as [| |o]; simpl in *; [by apply IH..|].
  destruct (drop_ofd_spec o w _ H) as [Hm _]. eapply moves_trans; [|exact Hm|apply IH, Hm].
  intros k Hk. apply in_app_iff. by right.
Qed.

Lemma try_new_state_spec admitted flags off pid w w' r K : cells_ok w K ->
  try_new_state admitted flags off pid w = Some (w', r) ->
  match r with
  | Ok l => l = next_cell w /\ (forall id, moves K (mkKey id l None :: K) w w')
      /\ cell_at (states w') l = Some (mkShared flags off pid 0 None)
      /\ (forall k, In k K -> key_state k <> l)
  | Err _ => w' = w
  end.
Proof.
  intros [H1 H2 H3]. unfold try_new_state. destruct admitted; intros [= <- <-]; [|done].
  assert (states w !! next_cell w = None) as Hn.
  { destruct (states w !! next_cell w) eqn:E; [|done]. specialize (H3 (next_cell w)). rewrite E in H3.
    assert (next_cell w < next_cell w); [|lia]. apply H3. left. by eexists. }
  destruct (heap_exact_new _ _ _ (mkShared flags off pid 0 None) H1 Hn) as [N1 N2].
  assert (forall k, In k K -> key_state k <> next_cell w) as Hfresh.
  { intros k Hk E. pose proof (H1 (next_cell w)) as H0. rewrite Hn in H0. apply occurrences_zero in H0.
    apply H0. rewrite <- E. by apply in_map. }
  split_and!; [done| | |done].
  - intros id. split; [split|split|]; cbn [states rings next_cell last_ofd_id]; try (done || lia).
    + intros l [Hl|Hl].
      * destruct (decide (l = next_cell w)) as [->|]; [lia|]. rewrite lookup_insert_ne in Hl by done.
        specialize (H3 l (or_introl Hl)). lia.
      * specialize (H3 l (or_intror Hl)). lia.
    + intros k Hk. apply N2. by apply Hfresh.
  - cbn [states]. unfold cell_at. by rewrite lookup_insert_eq.
Qed.

Lemma clone_state_spec w K l w' r : cells_ok w K -> clone_state l w = Some (w', r) ->
  r = Ok l /\ rings w' = rings w /\ next_cell w' = next_cell w /\ last_ofd_id w' = last_ofd_id w
  /\ heap_exact (states w') (l :: state_ptrs K)
  /\ (forall k, cell_at (states w') k = cell_at (states w) k).
Proof.
  intros [H1 H2 H3]. unfold clone_state. destruct (rc_clone l (states w)) as [h|] eqn:E; [|done].
  intros [= <- <-]. destruct (heap_exact_clone _ _ _ _ H1 E) as [N1 N2]. by split_and!.
Qed.

Lemma cell_at_some {A} (h h' : gmap Z (Rc A)) l : cell_at h' l = cell_at h l -> is_Some (h' !! l) -> is_Some (h !! l).
Proof. unfold cell_at. destruct (h' !! l), (h !! l); simpl; intros E [? ?]; try done; by eexists. Qed.

Lemma clone_input_box_spec mem i w w' r K : cells_ok w K -> clone_input_box mem i w = Some (w', r) ->
  match r with
  | Ok i' => i' = i /\ states w' = states w /\ next_cell w' = next_cell w /\ last_ofd_id w' = last_ofd_id w
      /\ heap_exact (rings w') (option_list (option_map ring i) ++ ring_ptrs K)
      /\ (forall k, cell_at (rings w') k = cell_at (rings w) k)
  | Err _ => moves K K w w'
  end.
Proof.
  intros H. pose proof H as [H1 H2 H3]. unfold clone_input_box.
  destruct i as [i|]; [|intros [= <- <-]; by split_and!].
  unfold clone_ring. destruct (rc_clone (ring i) (rings w)) as [h|] eqn:E; [|done].
  destruct (heap_exact_clone _ _ _ _ H2 E) as [N1 N2].
  destruct (input_box mem); intros [= <- <-]; [by split_and!|].
  destruct (heap_exact_drop _ _ _ N1) as (D1 & D2 & _ & D4).
  split; [split|split|]; unfold drop_ring, with_rings; cbn [states rings next_cell last_ofd_id]; try (done || lia).
  - intros l [Hl|Hl]; [apply H3; by left|]. apply D4, (cell_at_some (rings w)) in Hl; [|done]. apply H3. by right.
  - intros k l Hk Hl. rewrite D2 by (by eapply in_ring_ptrs). apply N2.
Qed.

Lemma reset_key w o : key (reset_directory_iterator_for_reopen w o) = key o.
Proof. unfold reset_directory_iterator_for_reopen. by case_bool_decide. Qed.

Lemma reset_ref_count w o : ref_count (reset_directory_iterator_for_reopen w o) = ref_count o.
Proof. unfold reset_directory_iterator_for_reopen. by case_bool_decide. Qed.

(** A clone shares the cell and the ring of its original. *)
Lemma try_clone_ofd_spec size mem o w w' r K : cells_ok w K -> try_clone_ofd size mem o w = Some (w', r) ->
  match r with
  | Ok o' => key o' = key o /\ moves K (key o :: K) w w'
  | Err _ => moves K K w w'
  end.
Proof.
  intros H. pose proof H as [H1 H2 H3]. unfold try_clone_ofd.
  destruct (clone_dri_box size mem (dri_state o)) as [[dri'|e]|]; [|intros [= <- <-]; by apply moves_refl|done].
  unfold op_bind, op_get, op_ret. destruct (clone_input_box mem (input_state o) w) as [[w1 [i'|e]]|] eqn:Ei; [| |done];
    pose proof (clone_input_box_spec _ _ _ _ _ K H Ei) as Hi; simpl in Hi; [|intros [= <- <-]; done].
  destruct Hi as (-> & S1 & S2 & S3 & S4 & S5). unfold clone_state. rewrite S1.
  destruct (rc_clone (shared_state o) (states w)) as [h|] eqn:E; [|done].
  destruct (heap_exact_clone _ _ _ _ H1 E) as [N1 N2]. intros [= <- <-]. rewrite reset_key.
  split; [done|]. split; [split|split|]; unfold with_states; cbn [states rings next_cell last_ofd_id]; try (done || lia).
  - by rewrite ring_ptrs_cons.
  - rewrite S2. intros l [Hl|Hl]; apply H3; [left|right]; eapply cell_at_some; [apply N2|done|apply S5|done].
Qed.

(** A slot and its copy. *)
Inductive copied : OfdSlot -> OfdSlot -> Prop :=
  | copied_free s : (forall o, s <> Open o) -> copied s Free
  | copied_open o o' : key o' = key o -> copied (Open o) (Open o').

Lemma copied_keys l l' : Forall2 copied l l' -> slot_keys l' = slot_keys l.
Proof.
  induction 1 as [|s s' l l' Hs Hl IH]; [done|]. destruct Hs as [s Hn|o o' Ho]; simpl; rewrite IH.
  - by destruct s as [| |o]; [..|destruct (Hn o)].
  - by rewrite Ho.
Qed.

Lemma clone_slots_spec size mems l : forall k dn w w' r K, cells_ok w (slot_keys dn ++ K) ->
  clone_slots size mems k l dn w = Some (w', r) ->
  match r with
  | Ok l' => exists copies, l' = dn ++ copies /\ Forall2 copied l copies /\ moves K (slot_keys l' ++ K) w w'
  | Err _ => moves K K w w'
  end.
Proof.
  induction l as [|s l IH]; intros k dn w w' r K Hok; cbn [clone_slots].
  { intros [= <- <-]. exists []. rewrite app_nil_r. by split_and!. }
  assert (forall w1 s', moves K (slot_keys (dn ++ [s']) ++ K) w w1 -> copied s s' ->
    clone_slots size mems (S k) l (dn ++ [s']) w1 = Some (w', r) ->
    match r with
    | Ok l' => exists copies, l' = dn ++ copies /\ Forall2 copied (s :: l) copies /\ moves K (slot_keys l' ++ K) w w'
    | Err _ => moves K K w w'
    end) as Hnext.
  { intros w1 s' Hm Hc Hrun. pose proof (IH _ _ _ _ _ _ (moves_cells _ _ _ _ Hm) Hrun) as H. destruct r as [l'|e].
    - destruct H as (copies & -> & Hf & Hm'). exists (s' :: copies). rewrite <- app_assoc in *.
      split_and!; [done|by constructor|by eapply moves_trans].
    - by eapply moves_trans. }
  assert ((forall o, s <> Open o) -> copied s Free /\ moves K (slot_keys (dn ++ [Free]) ++ K) w w) as Hfree.
  { intros Hn. split; [by constructor|]. rewrite slot_keys_app, app_nil_r. by split. }
  destruct s as [| |o]; [by apply Hnext; apply Hfree..|].
  destruct (try_clone_ofd size (mems k) o w) as [[w1 [o'|e]]|] eqn:Eo; [| |done];
    pose proof (try_clone_ofd_spec _ _ _ _ _ _ _ Hok Eo) as Ho; simpl in Ho.
  - destruct Ho as [Hk [M1 M2 M3]]. apply Hnext; [|by constructor]. split; [| |done].
    + rewrite slot_keys_app. simpl. rewrite Hk. eapply cells_ok_perm; [|exact M1].
      rewrite <- app_assoc. apply Permutation_middle.
    + eapply keeps_sub; [|exact M2]. intros k' ?. apply in_app_iff. by right.
  - intros [= <- <-]. eapply moves_trans; [|exact Ho|apply drop_slots_spec, Ho]. intros k' ?. apply in_app_iff. by right.
Qed.

(** ** Descriptors that name a slot *)

Definition names (slot : Z) (s : FdSlot) : Z :=
  match s with Fd.Open entry => if slot =? ofd_ref entry then 1 else 0 | _ => 0 end.

(** The number of open descriptors of a table that name a slot. *)
Definition aliases (fds : FdTable) (slot : Z) : Z := occurrences slot (map ofd_ref (map snd (Fd.iter fds))).

Definition sum_to (n : nat) (f : nat -> Z) : Z := foldr (fun j acc => f j + acc) 0 (seq 0 n).

Lemma sum_to_S n f : sum_to (S n) f = sum_to n f + f n.
Proof.
  unfold sum_to. rewrite seq_S, foldr_app. simpl. rewrite Z.add_0_r.
  induction (seq 0 n) as [|j l IH]; simpl; [lia|]. rewrite IH. lia.
Qed.

Lemma sum_to_ext n f g : (forall j, (j < n)%nat -> f j = g j) -> sum_to n f = sum_to n g.
Proof. induction n as [|n IH]; intros H; [done|]. rewrite !sum_to_S, IH, H by auto. done. Qed.

Lemma sum_to_change n i f g : (i < n)%nat -> (forall j, j <> i -> g j = f j) ->
  sum_to n g = sum_to n f - f i + g i.
Proof.
  induction n as [|n IH]; [lia|]. intros Hi H. rewrite !sum_to_S. destruct (decide (i = n)) as [->|].
  - rewrite (sum_to_ext n g f) by (intros; apply H; lia). lia.
  - rewrite IH by (lia || done). rewrite (H n) by done. lia.
Qed.

Lemma names_open_entries slot l : forall k,
  occurrences slot (map ofd_ref (map snd (open_entries k l))) = foldr (fun s n => names slot s + n) 0 l.
Proof.
  induction l as [|s l IH]; intros k; [done|]. rewrite open_entries_cons.
  destruct s as [| |e]; simpl; rewrite ?occurrences_cons, IH; done.
Qed.

Lemma foldr_sum_to slot l n : (length l <= n)%nat ->
  foldr (fun s acc => names slot s + acc) 0 l = sum_to n (fun j => names slot (default Fd.Free (l !! j))).
Proof.
  revert l. induction n as [|n IH]; intros l Hl; [by destruct l; simpl in *; [|lia]|].
  rewrite sum_to_S. destruct (lookup_lt_is_Some_2 (l ++ [Fd.Free]) (length l)) as [? _]; [rewrite length_app; simpl; lia|].
  destruct (decide (length l <= n)%nat) as [Hle|].
  - rewrite (IH l Hle), (lookup_ge_None_2 l n) by lia. simpl. lia.
  - assert (exists l' s, l = l' ++ [s]) as (l' & s & ->).
    { destruct (rev l) as [|s l'] eqn:E; [apply (f_equal length) in E; rewrite length_rev in E; simpl in E; lia|].
      exists (rev l'), s. by rewrite <- (rev_involutive l), E. }
    rewrite length_app in *. simpl in *. assert (length l' = n) as Hn by lia.
    rewrite lookup_app_r, Hn, Nat.sub_diag by lia. rewrite foldr_app. simpl.
    rewrite (sum_to_ext n _ (fun j => names slot (default Fd.Free (l' !! j)))) by (intros; rewrite lookup_app_l by lia; done).
    rewrite <- (IH l') by lia. clear. induction l' as [|x l' IH]; simpl; lia.
Qed.

Lemma aliases_sum fds slot n : wf fds -> (slot_count fds <= n)%nat ->
  aliases fds slot = sum_to n (fun j => names slot (view fds j)).
Proof.
  intros Hwf Hn. unfold aliases. rewrite iter_open_entries, names_open_entries.
  rewrite (foldr_sum_to slot _ n) by (rewrite length_app; exact Hn).
  apply sum_to_ext. intros j _. unfold view. by rewrite slot_split.
Qed.

(** A table that changes at one number changes the count by the two slots. *)
Lemma aliases_updated fds fds' i s slot : wf fds -> updated fds fds' i s ->
  aliases fds' slot = aliases fds slot - names slot (view fds i) + names slot s.
Proof.
  intros Hwf [Hwf' _ Hv]. set (n := Nat.max (S i) (Nat.max (slot_count fds) (slot_count fds'))).
  rewrite (aliases_sum fds slot n), (aliases_sum fds' slot n) by (done || lia).
  rewrite (sum_to_change n i (fun j => names slot (view fds j))) by (lia || (intros j Hj; by rewrite Hv, decide_False)).
  by rewrite Hv, decide_True.
Qed.

Lemma aliases_same fds fds' slot : wf fds -> wf fds' -> (forall j, view fds' j = view fds j) ->
  aliases fds' slot = aliases fds slot.
Proof.
  intros H H' Hv. set (n := Nat.max (slot_count fds) (slot_count fds')).
  rewrite (aliases_sum fds slot n), (aliases_sum fds' slot n) by (done || lia).
  apply sum_to_ext. intros j _. by rewrite Hv.
Qed.

Lemma aliases_nonneg fds slot : 0 <= aliases fds slot.
Proof. apply occurrences_nonneg. Qed.

Lemma names_nonneg slot s : 0 <= names slot s.
Proof. unfold names. repeat case_match; lia. Qed.

Lemma names_pos slot l : 0 < foldr (fun s n => names slot s + n) 0 l <->
  exists j entry, l !! j = Some (Fd.Open entry) /\ ofd_ref entry = slot.
Proof.
  assert (forall l, 0 <= foldr (fun s n => names slot s + n) 0 l) as Hpos.
  { intros k. induction k as [|s k IH]; simpl; [done|]. pose proof (names_nonneg slot s). lia. }
  induction l as [|s l IH]; simpl; [split; [lia|]; intros (j & e & Hj & _); by rewrite lookup_nil in Hj|].
  specialize (Hpos l). split.
  - intros H. destruct s as [| |e]; simpl in H;
      try (destruct IH as [IH _]; destruct IH as (j & e' & Hj & He); [lia|]; by exists (S j), e').
    destruct (Z.eqb_spec slot (ofd_ref e)); [by exists 0%nat, e|].
    destruct IH as [IH _]. destruct IH as (j & e' & Hj & He); [lia|]. by exists (S j), e'.
  - intros ([|j] & e & Hj & He); simpl in Hj.
    + injection Hj as ->. simpl. rewrite (proj2 (Z.eqb_eq slot (ofd_ref e))) by done. lia.
    + assert (0 < foldr (fun s n => names slot s + n) 0 l) by (apply IH; eauto).
      pose proof (names_nonneg slot s). lia.
Qed.

Lemma aliases_pos fds slot : wf fds -> 0 < aliases fds slot <->
  exists j entry, view fds j = Fd.Open entry /\ ofd_ref entry = slot.
Proof.
  intros Hwf. unfold aliases. rewrite iter_open_entries, names_open_entries, names_pos.
  split; intros (j & e & Hj & He); exists j, e; (split; [|done]).
  - apply view_slot; [done|]. by rewrite slot_split.
  - rewrite <- slot_split by done. by apply view_slot.
Qed.

(** ** One table *)

(** A table as a total map from numbers to slots. *)
Definition tview (t : OfdTable) (i : nat) : OfdSlot := default Free (slots_of t !! i).

Lemma get_tview t i o : get t i = Some o <-> tview t i = Open o.
Proof. unfold get, tview. destruct (slots_of t !! i) as [[| |]|]; simpl; split; intros; simplify_eq; done. Qed.

Lemma get_tview_None t i : get t i = None <-> forall o, tview t i <> Open o.
Proof. unfold get, tview. destruct (slots_of t !! i) as [[| |o]|]; simpl; split; try done. intros H. by destruct (H o). Qed.

(** The table differs from another at one number only; the multiset of its
    descriptions differs by that slot. *)
Record tupdated (t t' : OfdTable) (i : nat) (s : OfdSlot) : Prop := {
  tu_buf : buf_ok (entries t');
  tu_view : forall j, tview t' j = if decide (j = i) then s else tview t j;
  tu_keys : exists rest, slot_keys (slots_of t) ≡ₚ slot_keys [tview t i] ++ rest
    /\ slot_keys (slots_of t') ≡ₚ slot_keys [s] ++ rest;
}.

Lemma tview_same t t' i s : tupdated t t' i s -> tview t' i = s.
Proof. intros [_ H _]. by rewrite H, decide_True. Qed.

Lemma tview_other t t' i s j : tupdated t t' i s -> j <> i -> tview t' j = tview t j.
Proof. intros [_ H _] Hj. by rewrite H, decide_False. Qed.

Lemma set_slot_updated t i s s0 : buf_ok (entries t) -> slots_of t !! i = Some s0 ->
  tupdated t (set_slot i s t) i s.
Proof.
  intros Hb Hi. unfold set_slot, slots_of in *. split; unfold tview, slots_of; cbn [entries values].
  - unfold buf_ok, len in *. cbn [values capacity]. by rewrite length_insert.
  - intros j. case_decide as Hj; [subst j|by rewrite list_lookup_insert_ne].
    rewrite list_lookup_insert_eq; [done|]. by eapply lookup_lt_Some.
  - rewrite Hi. simpl. apply list_elem_of_split_length in Hi as (l1 & l2 & E & Hl). rewrite E.
    exists (slot_keys l1 ++ slot_keys l2). subst i. rewrite insert_middle.
    change (s0 :: l2) with ([s0] ++ l2). change (s :: l2) with ([s] ++ l2). rewrite !slot_keys_app.
    split; apply Permutation_app_swap_app.
Qed.

Lemma lookup_tview t i o : tview t i = Open o -> slots_of t !! i = Some (Open o).
Proof. unfold tview. by destruct (slots_of t !! i) as [s|]; simpl; [intros ->|]. Qed.

Lemma lookup_tview_reserved t i : tview t i = Reserved -> slots_of t !! i = Some Reserved.
Proof. unfold tview. by destruct (slots_of t !! i) as [s|]; simpl; [intros ->|]. Qed.

Lemma push_updated t cap : len (entries t) < cap ->
  tupdated t (mkOfdTable (mkIoBuffer (slots_of t ++ [Reserved]) cap)) (length (slots_of t)) Reserved.
Proof.
  intros Hc. split; unfold tview, slots_of in *; cbn [entries values].
  - unfold buf_ok, len in *. cbn [values capacity]. rewrite length_app. simpl. lia.
  - intros j. case_decide as Hj; [subst j; by rewrite lookup_app_r, Nat.sub_diag by lia|].
    destruct (decide (j < length (values (entries t)))%nat); [by rewrite lookup_app_l|].
    rewrite !lookup_ge_None_2; [done|lia|rewrite length_app; simpl; lia].
  - exists (slot_keys (values (entries t))). rewrite lookup_ge_None_2 by lia. simpl.
    by rewrite slot_keys_app, app_nil_r.
Qed.

Lemma reserve_table_spec size mem v w t : buf_ok (entries t) ->
  exists w' t' r, reserve size mem v (w, t) = Some ((w', t'), r)
    /\ match r with
       | Ok p => value p = v /\ w' = w /\ tview t (index p) = Free /\ tupdated t t' (index p) Reserved
       | Err _ => t' = t /\ w' = drop_ofd v w
       end.
Proof.
  intros Hb. unfold reserve. cbn [fst snd]. destruct (position is_free (slots_of t)) as [i|] eqn:Ep.
  - apply position_Some in Ep as (s & Hs & Hf & _). eexists w, _, (Ok (mkPrepared i v)). split; [done|]. cbn [value index].
    split_and!; try done; [|by eapply set_slot_updated]. unfold tview. rewrite Hs. by destruct s.
  - unfold on_entries. cbn [snd fst].
    destruct (try_push_total size mem Reserved (entries t) Hb) as (b & r & -> & Hb' & H).
    destruct H as [[-> Hv]|[[e ->] ->]].
    + eexists w, _, (Ok _). split; [done|]. cbn [value index]. split_and!; try done.
      * unfold tview. by rewrite lookup_ge_None_2.
      * destruct b as [v' cap]. cbn [values] in Hv. subst v'. apply push_updated.
        unfold buf_ok, len in Hb'. cbn [values capacity] in Hb'. rewrite length_app in Hb'. simpl in Hb'. unfold len. lia.
    + eexists _, _, (Err e). split; [done|]. split; [by destruct t|done].
Qed.

(** A prepared description has a new identity and a new cell. *)
Lemma prepare_table_spec size pa sa mem kind flags name w t K : cells_ok w K -> buf_ok (entries t) ->
  last_ofd_id w < u64_max ->
  exists w' t' r, prepare size pa sa mem kind flags name (w, t) = Some ((w', t'), r)
    /\ last_ofd_id w' <= last_ofd_id w + 1
    /\ match r with
       | Ok p => key (value p) = mkKey (last_ofd_id w + 1) (next_cell w) None /\ ref_count (value p) = 1
           /\ file_type (value p) = kind
           /\ cell_at (states w') (next_cell w) = Some (mkShared flags 0 0 0 None)
           /\ last_ofd_id w' = last_ofd_id w + 1 /\ (forall k, In k K -> key_state k <> next_cell w)
           /\ moves K (key (value p) :: K) w w'
           /\ tview t (index p) = Free /\ tupdated t t' (index p) Reserved
       | Err _ => t' = t /\ moves K K w w'
       end.
Proof.
  intros Hok Hb Hl. unfold prepare, op_bind, op_lift.
  destruct (copy_path pa name) as [p|e]; [|eexists _, _, (Err e); split; [done|]; split; [simpl; lia|]; split; [done|by apply moves_refl]].
  unfold on_world. cbn [fst snd]. destruct (try_new_state sa flags 0 0 w) as [[w1 [l|e]]|] eqn:En;
    [| |unfold try_new_state in En; by destruct sa];
    pose proof (try_new_state_spec _ _ _ _ _ _ _ _ Hok En) as Hn; cbn beta iota in Hn.
  2: { subst w1. eexists _, _, (Err e). split; [done|]. split; [simpl; lia|]. split; [done|by apply moves_refl]. }
  destruct Hn as (-> & Hm & Hcell & Hfresh).
  assert (last_ofd_id w1 = last_ofd_id w) as Hlast.
  { unfold try_new_state in En. by destruct sa; injection En as <-. }
  unfold allocate_ofd_id. cbn [fst snd]. rewrite Hlast. unfold checked_add. rewrite (proj2 (Z.leb_le _ _)) by lia.
  set (o := mkOfd _ _ _ _ _ _ _ _ _ _ _ _ _ _). set (w2 := with_last w1 (last_ofd_id w + 1)).
  assert (moves K (key o :: K) w w2) as Hm2.
  { destruct (Hm (last_ofd_id w + 1)) as [[M1 M2 M3] M4 M5]. split; [by split|done|]. simpl. lia. }
  destruct (reserve_table_spec size mem o w2 t Hb) as (w' & t' & r & -> & Hr). eexists _, _, r. split; [done|].
  destruct r as [p'|e].
  - destruct Hr as (-> & -> & Hv & Ht). split; [simpl; lia|]. by split_and!.
  - destruct Hr as [-> ->]. destruct (drop_ofd_spec o w2 K (moves_cells _ _ _ _ Hm2)) as [Hd _]. split.
    + unfold drop_ofd, drop_state. destruct (rc_drop _ _). simpl. lia.
    + split; [done|]. by eapply moves_trans; [|exact Hm2|exact Hd].
Qed.

Lemma try_clone_spec size flip mem mems t w w' r K : cells_ok w K ->
  try_clone size flip mem mems t w = Some (w', r) ->
  match r with
  | Ok t' => Forall2 copied (slots_of t) (slots_of t') /\ buf_ok (entries t')
      /\ moves K (slot_keys (slots_of t') ++ K) w w'
  | Err _ => moves K K w w'
  end.
Proof.
  intros Hok. unfold try_clone. destruct (build _) as [[b|e]|] eqn:Eb; [|intros [= <- <-]; by apply moves_refl|done].
  destruct (clone_slots flip mems 0 (slots_of t) [] w) as [[w1 [l|e]]|] eqn:Ec; [| |done];
    pose proof (clone_slots_spec _ _ _ _ [] _ _ _ K Hok Ec) as Hc; cbn beta iota in Hc; [|intros [= <- <-]; done].
  destruct Hc as (copies & -> & Hf & Hm). unfold extend_from_slice.
  destruct (Z.leb_spec (lenZ ([] ++ copies)) (capacity b - len b)) as [Hle|]; [|done]. intros [= <- <-].
  assert (values b = []) as Hv.
  { unfold build in Eb. destruct (reserve_with_spec size mem (lenZ (slots_of t)) (@new OfdSlot)) as (b' & [[]|e'] & E & Hv & _);
      rewrite E in Eb; by simplify_eq. }
  unfold slots_of, len in *. cbn [entries values] in *. rewrite Hv in *. split_and!; [done| |done].
  unfold buf_ok, len. cbn [values capacity] in *. simpl in *. lia.
Qed.

(** The counts prepared for a child are those of its descriptors. *)
Lemma inherited_count_total refs slot : ascending (counts refs) -> inherited_count refs slot = total slot (counts refs).
Proof.
  intros Ha. unfold inherited_count. destruct (search_spec slot _ Ha) as [l1 c l2 E|l1 l2 E H1 H2]; rewrite E in *.
  - by rewrite lookup_middle, total_middle.
  - by rewrite total_missing.
Qed.

Lemma live_slots_spec t l : forall l', live_slots t l = Ok l' -> l' = l /\ forall slot, In slot l -> get t (Z.to_nat slot) <> None.
Proof.
  induction l as [|s l IH]; intros l'; simpl; [by intros [= <-]|].
  destruct (get t (Z.to_nat s)) eqn:Es; [|done]. destruct (live_slots t l) as [rest|]; [|done].
  intros [= <-]. destruct (IH rest eq_refl) as [-> H]. split; [done|]. intros slot [<-|Hin]; [by rewrite Es|auto].
Qed.

Lemma not_excluded_zero fds : not_excluded 0 fds = map snd (Fd.iter fds).
Proof. unfold not_excluded. apply forallb_filter_id, forallb_forall. intros e _. by rewrite Z.land_0_r. Qed.

Lemma allocate_io_spec {A} size mem n (b : IoBuffer A) : allocate_io size mem n = Ok b -> values b = [] /\ n <= capacity b.
Proof. unfold allocate_io, ok_or. intros H. repeat case_match; simplify_eq/=. to_prop. by split. Qed.

Lemma prepare_inherited_spec size mem t fds : exists r, prepare_inherited size mem t fds 0 = Some r
  /\ forall refs, r = Ok refs ->
     (forall slot, inherited_count refs slot = aliases fds slot)
     /\ (forall slot, 0 < aliases fds slot -> get t (Z.to_nat slot) <> None).
Proof.
  unfold prepare_inherited, prepare_with_executable. rewrite not_excluded_zero.
  set (L := map snd (Fd.iter fds)). cbn beta iota zeta delta [option_list]. rewrite app_nil_r.
  unfold ok_or. split_checked Hc; [|by eexists].
  destruct (allocate_io size mem (lenZ L + 0)) as [b|] eqn:Ea; [|by eexists].
  destruct (live_slots t (map ofd_ref L)) as [l|] eqn:El; [|by eexists].
  apply live_slots_spec in El as [-> Hlive]. apply allocate_io_spec in Ea as [Hv Hcap].
  unfold extend_from_slice, len. rewrite Hv, !length_map, (proj2 (Z.leb_le _ _)) by (simpl; lia).
  eexists. split; [done|]. intros refs. cbn [values]. rewrite app_nil_l.
  destruct (merge_runs _ _) as [out|] eqn:Em; [|done]. intros [= <-]. apply merge_ones in Em as (Ha & Hp & Ht).
  split.
  - intros slot. by rewrite inherited_count_total, Ht.
  - intros slot Hs%occurrences_pos. by apply Hlive.
Qed.

(** What [retain_fd_references] makes of slot [k]. *)
Definition retained (n : Z) (s : OfdSlot) : OfdSlot :=
  match s with
  | Open o => if 0 <? n then Open (with_ref_count o n) else Free
  | _ => s
  end.

Lemma retain_slots_spec refs l : forall k w w' l' K, cells_ok w (slot_keys l ++ K) ->
  retain_slots refs k l w = (w', l') ->
  l' = imap (fun i s => retained (inherited_count refs (Z.of_nat (k + i))) s) l
  /\ moves K (slot_keys l' ++ K) w w'.
Proof.
  induction l as [|s l IH]; intros k w w' l' K Hok; cbn [retain_slots]; [intros [= <- <-]; by split|].
  set (n := inherited_count refs (Z.of_nat k)).
  set (step := match s with Open o => _ | _ => _ end).
  assert (snd step = retained n s) as Hs by (by destruct s as [| |o]; simpl; [..|destruct (0 <? n)]).
  assert (moves (slot_keys l ++ K) (slot_keys [retained n s] ++ slot_keys l ++ K) w (fst step)) as Hm.
  { destruct s as [| |o]; simpl in *; [by apply moves_refl..|]. destruct (0 <? n); simpl.
    - split; [done|done|lia].
    - by apply drop_ofd_spec. }
  destruct step as [w1 s']. cbn [fst snd] in *. subst s'.
  destruct (retain_slots refs (S k) l w1) as [w2 rest] eqn:Er. intros [= <- <-].
  assert (cells_ok w1 (slot_keys l ++ slot_keys [retained n s] ++ K)) as Hok1.
  { eapply cells_ok_perm; [|exact (moves_cells _ _ _ _ Hm)]. apply Permutation_app_swap_app. }
  destruct (IH _ _ _ _ _ Hok1 Er) as [-> Hm2]. split.
  - cbn [imap]. rewrite Nat.add_0_r. f_equal. apply imap_ext. intros i x _. simpl. by replace (k + S i)%nat with (S (k + i)) by lia.
  - change (retained n s :: ?r) with ([retained n s] ++ r). rewrite slot_keys_app.
    destruct Hm as [M1 M2 M3], Hm2 as [N1 N2 N3]. split; [|eapply cells_keep_trans|lia].
    + eapply cells_ok_perm; [|exact N1]. rewrite <- app_assoc. apply Permutation_app_swap_app.
    + eapply keeps_sub; [|exact M2]. intros x ?. apply in_app_iff. by right.
    + eapply keeps_sub; [|exact N2]. intros x ?. apply in_app_iff. by right.
Qed.

(** After the child's references are rebuilt, each of its descriptions counts
    its descriptors, and the slots nobody names are free. *)
Lemma retain_fd_references_spec size mem fds w t K : cells_ok w (slot_keys (slots_of t) ++ K) ->
  buf_ok (entries t) ->
  exists w' t' r, retain_fd_references size mem fds (w, t) = Some ((w', t'), r)
    /\ match r with
       | Ok _ => buf_ok (entries t') /\ moves K (slot_keys (slots_of t') ++ K) w w'
           /\ (forall i, tview t' i = retained (aliases fds (Z.of_nat i)) (tview t i))
           /\ (forall slot, 0 < aliases fds slot -> get t (Z.to_nat slot) <> None)
       | Err _ => w' = w /\ t' = t
       end.
Proof.
  intros Hok Hb. unfold retain_fd_references. cbn [fst snd].
  destruct (prepare_inherited_spec size mem t fds) as ([refs|e] & -> & Hr); [|by eexists w, t, (Err e)].
  destruct (Hr refs eq_refl) as [Hcount Hlive].
  destruct (retain_slots refs 0 (slots_of t) w) as [w' l'] eqn:E.
  destruct (retain_slots_spec _ _ _ _ _ _ _ Hok E) as [-> Hm]. eexists _, _, (Ok tt). split; [done|].
  unfold slots_of in *. cbn [entries values] in *. split_and!; [|done| |done].
  - unfold buf_ok, len in *. cbn [values capacity]. by rewrite length_imap.
  - intros i. unfold tview, slots_of. cbn [entries values]. rewrite list_lookup_imap. simpl. rewrite Hcount.
    by destruct (values (entries t) !! i).
Qed.

(** ** Relinking a forked table *)

Lemma link_ring_spec source o w w' r K : cells_ok w (key o :: K) -> link_ring source o w = Some (w', r) ->
  exists o', r = Ok o' /\ ofd_id o' = ofd_id o /\ shared_state o' = shared_state o /\ moves K (key o' :: K) w w'
    /\ (forall i si, input_state o = Some i -> input_state source = Some si ->
          option_map ring (input_state o') = Some (ring si)).
Proof.
  intros Hok. pose proof Hok as [H1 H2 H3]. unfold link_ring.
  assert (exists o', @Ok OpenFileDesc o = Ok o' /\ ofd_id o' = ofd_id o /\ shared_state o' = shared_state o
    /\ moves K (key o' :: K) w w) as Hsame.
  { exists o. split_and!; try done. }
  destruct (input_state o) as [ci|] eqn:Eo; [|intros [= <- <-]; destruct Hsame as (? & ? & ? & ? & ?); eexists; by split_and!].
  destruct (input_state source) as [si|] eqn:Es; [|intros [= <- <-]; destruct Hsame as (? & ? & ? & ? & ?); eexists; by split_and!].
  clear Hsame. unfold clone_ring. destruct (rc_clone (ring si) (rings w)) as [h|] eqn:E; [|done]. intros [= <- <-].
  rewrite ring_ptrs_cons in H2. cbn [key key_ring] in H2. rewrite Eo in H2. cbn [option_map option_list app] in H2.
  destruct (heap_exact_clone _ _ _ _ H2 E) as [N1 N2].
  assert (heap_exact h (ring ci :: ring si :: ring_ptrs K)) as N1' by (eapply heap_exact_perm; [apply perm_swap|done]).
  destruct (heap_exact_drop _ _ _ N1') as (D1 & D2 & _ & D4).
  eexists. split; [done|]. cbn [ofd_id shared_state input_state option_map ring]. split_and!; try done.
  - split; [split|split|]; unfold drop_ring, with_rings; cbn [states rings next_cell last_ofd_id]; try (done || lia).
    + intros l [Hl|Hl]; [apply H3; by left|]. apply D4, (cell_at_some (rings w)) in Hl; [|done]. apply H3. by right.
    + intros k l Hk Hl. rewrite D2 by (right; by eapply in_ring_ptrs). apply N2.
  - by intros i si' _ [= <-].
Qed.

(** A description of the child moves to the parent's cell; its own is dropped. *)
Lemma link_one_spec source o w w' r K : cells_ok w (key o :: K) -> link_one source o w = Some (w', r) ->
  exists o', r = Ok o' /\ ofd_id o' = ofd_id o /\ shared_state o' = shared_state source
    /\ moves K (key o' :: K) w w'
    /\ (forall i si, input_state o = Some i -> input_state source = Some si ->
          option_map ring (input_state o') = Some (ring si)).
Proof.
  intros Hok. unfold link_one. destruct (clone_state (shared_state source) w) as [[w1 r1]|] eqn:E; [|done].
  destruct (clone_state_spec _ _ _ _ _ Hok E) as (_ & S1 & S2 & S3 & S4 & S5). pose proof Hok as [H1 H2 H3].
  unfold link_shared_state. set (o1 := mkOfd _ _ _ _ _ _ _ _ _ _ _ _ _ _). intros Hl.
  assert (heap_exact (states w1) (shared_state o :: state_ptrs (key o1 :: K))) as Hs.
  { eapply heap_exact_perm; [apply perm_swap|]. exact S4. }
  rewrite <- S1 in H2.
  assert (forall l, is_Some (states w1 !! l) \/ is_Some (rings w1 !! l) -> l < next_cell w1) as Hb.
  { rewrite S1, S2. intros l [Hl'|Hl']; apply H3; [left; by eapply cell_at_some; [apply S5|]|by right]. }
  destruct (drop_state_spec w1 (shared_state o) _ (key o1 :: K) Hs H2 Hb) as (D1 & D2 & D3 & D4 & D5 & _).
  set (w2 := drop_state (shared_state o) w1) in *.
  assert (moves K (key o1 :: K) w w2) as Hm.
  { split; [split; [done|by rewrite D2|done]|split|lia].
    - intros k Hk. rewrite D4; [apply S5|]. right. by apply in_map.
    - intros k l _ _. by rewrite D2, S1. }
  set (o2 := reset_directory_iterator_for_reopen w2 o1) in *.
  assert (key o2 = key o1) as Hk by apply reset_key. rewrite <- Hk in Hm.
  destruct (link_ring_spec source o2 w2 w' r K (moves_cells _ _ _ _ Hm) Hl) as (o' & -> & I1 & I2 & M & R).
  exists o'. injection Hk as K1 K2 K3. split_and!; [done|by rewrite I1, K1|by rewrite I2, K2|by eapply moves_trans|].
  intros i si Hi. unfold o2, reset_directory_iterator_for_reopen in R. by case_bool_decide; apply R with (i := i).
Qed.

(** Every description of the slots from number [k] on shares the identity and
    the cell of the source's description in the same slot. *)
Definition linked (source : OfdTable) (k : nat) (l : list OfdSlot) : Prop := forall i o, l !! i = Some (Open o) ->
  exists s, get source (k + i) = Some s /\ ofd_id o = ofd_id s /\ shared_state o = shared_state s.

Definition link_outcome (source : OfdTable) (k : nat) (K : list Key) (l : list OfdSlot) (w : World)
    (l' : list OfdSlot) (w' : World) (r : result unit) : Prop :=
  length l' = length l /\ moves K (slot_keys l' ++ K) w w' /\ (r = Ok tt -> linked source k l').

Lemma link_stop source k K l w e : cells_ok w (slot_keys l ++ K) -> link_outcome source k K l w l w (Err e).
Proof. intros H. split; [done|]. split; [split; [done|done|lia]|done]. Qed.

(** One slot done, then the rest. *)
Lemma link_cons source k K s s' l l' w w1 w' r :
  moves K (slot_keys [s'] ++ slot_keys l ++ K) w w1 -> linked source k [s'] ->
  link_outcome source (S k) (slot_keys [s'] ++ K) l w1 l' w' r ->
  link_outcome source k K (s :: l) w (s' :: l') w' r.
Proof.
  intros Hm Hs (Hlen & [N1 N2 N3] & Hi). split; [simpl; by rewrite Hlen|]. split.
  - change (s' :: l') with ([s'] ++ l'). rewrite slot_keys_app, <- app_assoc.
    eapply moves_perm; [apply Permutation_app_swap_app|]. eapply moves_trans; [|exact Hm|]; [done|].
    split; [done| |done]. eapply keeps_sub; [|exact N2]. intros x ?. apply in_app_iff. by right.
  - intros -> [|i] o Ho; simpl in Ho; [by apply (Hs 0%nat)|].
    replace (k + S i)%nat with (S k + i)%nat by lia. by apply Hi.
Qed.

Lemma link_slots_spec source l : forall k w w' l' r K, cells_ok w (slot_keys l ++ K) ->
  link_slots source k l w = Some (w', l', r) -> link_outcome source k K l w l' w' r.
Proof.
  induction l as [|s l IH]; intros k w w' l' r K Hok; cbn [link_slots].
  { intros [= <- <- <-]. split; [done|]. split; [split; [done|done|lia]|]. intros _ i o Hi. by rewrite lookup_nil in Hi. }
  assert (forall w1 w2 s' rest r2, moves K (slot_keys [s'] ++ slot_keys l ++ K) w w1 -> linked source k [s'] ->
    link_slots source (S k) l w1 = Some (w2, rest, r2) -> link_outcome source k K (s :: l) w (s' :: rest) w2 r2) as Hnext.
  { intros w1 w2 s' rest r2 Hm Hs Hrun. eapply link_cons; [exact Hm|done|]. eapply IH; [|exact Hrun].
    eapply cells_ok_perm; [|exact (moves_cells _ _ _ _ Hm)]. apply Permutation_app_swap_app. }
  destruct s as [| |o].
  1, 2: destruct (link_slots source (S k) l w) as [[[w2 rest] r2]|] eqn:E; [|done]; intros [= <- <- <-];
    eapply Hnext; [split; [exact Hok|done|lia]|by intros [|[|i]]|exact E].
  destruct (get source k) as [src|] eqn:Es; [|intros [= <- <- <-]; by apply link_stop].
  destruct (Z.eqb_spec (ofd_id src) (ofd_id o)) as [Hid|]; cbn [negb]; [|intros [= <- <- <-]; by apply link_stop].
  destruct (link_one src o w) as [[w1 r1]|] eqn:E1; [|done].
  destruct (link_one_spec src o w w1 r1 (slot_keys l ++ K) Hok E1) as (o' & -> & I1 & I2 & [M1 M2 M3] & _).
  destruct (link_slots source (S k) l w1) as [[[w2 rest] r2]|] eqn:E; [|done]. intros [= <- <- <-].
  eapply Hnext; [| |exact E].
  - split; [exact M1| |done]. eapply keeps_sub; [|exact M2]. intros x ?. apply in_app_iff. by right.
  - intros [|i] o1; [|done]. intros [= <-]. exists src. rewrite Nat.add_0_r. split_and!; [done|congruence|done].
Qed.

(** ** Positions through descriptions *)

Lemma inner_cell w o : inner w o = cell_at (states w) (shared_state o).
Proof. done. Qed.

Lemma update_cell_inner f o w a : inner (update_cell f o w) a
  = if decide (shared_state a = shared_state o) then option_map f (inner w a) else inner w a.
Proof. rewrite !inner_cell. unfold update_cell, with_states. cbn [states]. apply cell_at_alter. Qed.

Lemma update_cell_ok f o w K : cells_ok w K -> cells_ok (update_cell f o w) K.
Proof.
  intros [H1 H2 H3]. split; unfold update_cell, with_states; cbn [states rings next_cell].
  - by apply heap_exact_alter.
  - done.
  - intros l [Hl|Hl]; apply H3; [left|by right]. by eapply is_Some_alter.
Qed.

Lemma live_inner w K o : cells_ok w K -> In (key o) K -> exists c, inner w o = Some c.
Proof. intros [H _ _] Hin. eapply heap_exact_cell; [exact H|]. by apply (in_map key_state) in Hin. Qed.

Lemma shared_inner w a b : shared_state a = shared_state b -> inner w a = inner w b.
Proof. unfold inner. by intros ->. Qed.
