(* ===== verification/Descriptors.v ===== *)
(** * Descriptors of a process (crates/runtime-core/src/process.rs,
    crates/runtime-core/src/syscalls.rs, crates/runtime-core/src/process_table.rs)

    A process pairs its descriptor table with its table of open file
    descriptions. A new descriptor is prepared (both slots reserved, memory
    allocated), and then published or cancelled; dup adds a reference; a spawn
    clones both tables and keeps only the references its descriptors carry. *)

From S2P Require Import Prelude Lock Fd IoBuffer OfdRefs Ofd.

(** The part of [Process] that descriptors live in. *)
Record Proc : Type := mkProc { fd_table : FdTable; ofd_table : OfdTable }.

Record PreparedDescriptor : Type := mkPreparedDescriptor { prepared_pid : Z; fd : Z; ofd : PreparedOfd }.

(** A method of a process runs beside the machine's cells. *)
Abbreviation ProcState := (World * Proc)%type.

Definition on_fds {A} (m : op FdTable A) : op ProcState A := fun s =>
  match m (fd_table (snd s)) with
  | Some (t, r) => Some ((fst s, mkProc t (ofd_table (snd s))), r)
  | None => None
  end.

Definition on_ofds {A} (m : op TableState A) : op ProcState A := fun s =>
  match m (fst s, ofd_table (snd s)) with
  | Some ((w, t), r) => Some ((w, mkProc (fd_table (snd s)) t), r)
  | None => None
  end.

Section Process.
Variable pid : Z.
Variable size_of_fd_slot size_of_ofd_slot : Z.

(** What the preparation of a descriptor meets. *)
Record OpenMemory : Type := mkOpenMemory {
  fd_memory : Memory; path_admitted : bool; state_admitted : bool; ofd_memory : Memory;
}.

(** A refused description gives the descriptor number back. *)
Definition prepare_descriptor (mem : OpenMemory) (kind : FileType) (flags : Z) (name : list Z)
    : op ProcState PreparedDescriptor :=
  do! fd <- on_fds (Fd.reserve size_of_fd_slot (fd_memory mem));
  op_match (on_ofds (prepare size_of_ofd_slot (path_admitted mem) (state_admitted mem) (ofd_memory mem)
                       kind flags name))
    (fun ofd => op_ret (mkPreparedDescriptor pid fd ofd))
    (fun error => do! _ <- on_fds (release_reserved fd); op_err error).

Definition cancel_descriptor (prepared : PreparedDescriptor) : op ProcState unit :=
  do! _ <- op_assert (fun _ => prepared_pid prepared =? pid);
  do! _ <- on_ofds (cancel (ofd prepared));
  do! released <- on_fds (release_reserved (fd prepared));
  op_assert (fun _ => released).

(** The installation is [expect]ed. *)
Definition publish_descriptor (prepared : PreparedDescriptor) (handle flags : Z) : op ProcState Z :=
  do! _ <- op_assert (fun _ => prepared_pid prepared =? pid);
  do! index <- on_ofds (publish (ofd prepared) handle);
  op_match (on_fds (install_reserved (fd prepared) (Z.of_nat index) flags))
    (fun _ => op_ret (fd prepared))
    (fun _ => op_panic).

(** [inc_ref] and [dec_ref] of the process's table. *)
Definition retain_slot (idx : nat) : op ProcState unit := fun s =>
  match inc_ref idx (ofd_table (snd s)) with
  | Some t => Some ((fst s, mkProc (fd_table (snd s)) t), Ok tt)
  | None => None
  end.

Definition release_slot (idx : nat) : op ProcState bool := fun s =>
  match dec_ref idx (fst s, ofd_table (snd s)) with
  | Some ((w, t), freed) => Some ((w, mkProc (fd_table (snd s)) t), Ok freed)
  | None => None
  end.

Definition sys_dup (mem : Memory) (fd : Z) : op ProcState Z :=
  do! s <- op_get id;
  do! entry <- op_lift (Fd.get (fd_table (snd s)) fd);
  let slot := Z.to_nat (ofd_ref entry) in
  do! _ <- retain_slot slot;
  op_match (on_fds (Fd.alloc size_of_fd_slot mem (ofd_ref entry) 0))
    op_ret
    (fun e => do! _ <- release_slot slot; op_err e).

(** The descriptor part of a close: the number is free, the reference gone. *)
Definition close_descriptor (fd : Z) : op ProcState bool :=
  do! slot <- on_fds (Fd.free fd);
  release_slot (Z.to_nat slot).

(** The copy of a descriptor at a given number, the last part of dup2. *)
Definition install_copy (mem : Memory) (oldfd newfd : Z) : op ProcState Z :=
  do! s <- op_get id;
  do! entry <- op_lift (Fd.get (fd_table (snd s)) oldfd);
  let slot := Z.to_nat (ofd_ref entry) in
  do! _ <- retain_slot slot;
  op_match (on_fds (Fd.set_at size_of_fd_slot mem newfd (ofd_ref entry) 0))
    (fun _ => op_ret newfd)
    (fun e => do! _ <- release_slot slot; op_err e).

(** The descriptor part of dup2: the new number is closed first, errors
    ignored, and only then the copy is installed. *)
Definition sys_dup2 (mem : Memory) (oldfd newfd : Z) : op ProcState Z :=
  do! s <- op_get id;
  do! _ <- op_lift (Fd.get (fd_table (snd s)) oldfd);
  if oldfd =? newfd then op_ret newfd
  else
    do! _ <- op_match (close_descriptor newfd) (fun _ => op_ret tt) (fun _ => op_ret tt);
    install_copy mem oldfd newfd.

(** A blocked call keeps a reference to the description it waits for. *)
Definition pin_description (idx : nat) (id : Z) : op ProcState unit := fun s =>
  let (t, r) := try_inc_ref_exact idx id (ofd_table (snd s)) in
  Some ((fst s, mkProc (fd_table (snd s)) t), r).
End Process.

(** The tables of a spawned child: copies of the parent's, with the references
    its descriptors carry, and directory iterators that start over. *)
Section Spawn.
Variable size_of_fd_slot size_of_ofd_slot size_of_flip size_of_count : Z.

Record SpawnMemory : Type := mkSpawnMemory {
  fds_memory : Memory; table_memory : Memory; clone_memory : nat -> CloneMemory; counts_memory : Memory;
}.

Definition reset_iterators (w : World) (t : OfdTable) : OfdTable :=
  mkOfdTable (mkIoBuffer
    (map (fun s => match s with Open o => Open (reset_directory_iterator_for_reopen w o) | _ => s end)
       (slots_of t)) (capacity (entries t))).

(** An early return drops the tables copied so far. *)
Definition spawn_tables (mem : SpawnMemory) (parent : Proc) : op World Proc := fun w =>
  match Fd.try_clone size_of_fd_slot (fds_memory mem) (fd_table parent) with
  | None => None
  | Some (Err e) => Some (w, Err e)
  | Some (Ok fds) =>
      match try_clone size_of_ofd_slot size_of_flip (table_memory mem) (clone_memory mem) (ofd_table parent) w with
      | None => None
      | Some (w1, Err e) => Some (w1, Err e)
      | Some (w1, Ok t) =>
          match retain_fd_references size_of_count (counts_memory mem) fds (w1, t) with
          | None => None
          | Some ((w2, t2), Err e) => Some (drop_slots (slots_of t2) w2, Err e)
          | Some ((w2, t2), Ok _) => Some (w2, Ok (mkProc fds (reset_iterators w2 t2)))
          end
      end
  end.
End Spawn.
