(* ===== verification/DescInv.v ===== *)
(** * Descriptors, descriptions and cells of the whole machine

    The invariant that ties the three layers together, over any interleaving
    of opens in progress, dups, closes, pins of blocked calls, spawns and exits
    of any number of processes: a descriptor names an open description, a
    description counts its descriptors and pins, a cell counts its
    descriptions, and descriptions are one open file description exactly when
    they carry one identity. *)

From S2P Require Import Prelude Lock Fd IoBuffer OfdRefs Ofd OfdInv Descriptors.

(** ** One process *)

(** The tables, the pins of blocked calls (slot and identity) and the
    descriptors prepared but neither published nor cancelled. *)
Record Member : Type := mkMember {
  tables : Proc;
  pins : list (Z * Z);
  outstanding : list PreparedDescriptor;
}.

Definition pinned (m : list (Z * Z)) (slot : Z) : Z := occurrences slot (map fst m).

(** The descriptions a process keeps alive. *)
Definition member_keys (m : Member) : list Key :=
  slot_keys (slots_of (ofd_table (tables m))) ++ map (fun d => key (value (ofd d))) (outstanding m).

Record member_ok (pid : Z) (m : Member) : Prop := {
  mo_wf : wf (fd_table (tables m));
  mo_buf : buf_ok (entries (ofd_table (tables m)));
  mo_named : forall j entry, view (fd_table (tables m)) j = Fd.Open entry ->
    exists i o, ofd_ref entry = Z.of_nat i /\ tview (ofd_table (tables m)) i = Open o;
  mo_pins : forall slot id, In (slot, id) (pins m) ->
    exists i o, slot = Z.of_nat i /\ tview (ofd_table (tables m)) i = Open o /\ ofd_id o = id;
  mo_counts : forall i o, tview (ofd_table (tables m)) i = Open o ->
    ref_count o = aliases (fd_table (tables m)) (Z.of_nat i) + pinned (pins m) (Z.of_nat i)
    /\ 1 <= ref_count o <= u32_max;
  mo_slots : forall i, tview (ofd_table (tables m)) i = Reserved <-> In i (map (fun d => index (ofd d)) (outstanding m));
  mo_fds : forall j, view (fd_table (tables m)) j = Fd.Reserved <-> In (Z.of_nat j) (map fd (outstanding m));
  mo_distinct : NoDup (map (fun d => index (ofd d)) (outstanding m)) /\ NoDup (map fd (outstanding m));
  mo_values : forall d, In d (outstanding m) -> prepared_pid d = pid /\ ref_count (value (ofd d)) = 1 /\ 0 <= fd d;
}.

Lemma pinned_nonneg l slot : 0 <= pinned l slot.
Proof. apply occurrences_nonneg. Qed.

Lemma pinned_cons slot id l k : pinned ((slot, id) :: l) k = (if k =? slot then 1 else 0) + pinned l k.
Proof. unfold pinned. simpl. apply occurrences_cons. Qed.

Lemma pinned_middle l1 slot id l2 k : pinned (l1 ++ (slot, id) :: l2) k = (if k =? slot then 1 else 0) + pinned (l1 ++ l2) k.
Proof.
  unfold pinned. rewrite !map_app, !occurrences_app. simpl. rewrite occurrences_cons. lia.
Qed.

(** A description whose number of references changed: its descriptors, its
    pins or both. The slot keeps the description while somebody refers to it. *)
Lemma recount_ok pid m fds' t' pins' i o n : member_ok pid m ->
  tview (ofd_table (tables m)) i = Open o -> wf fds' ->
  tupdated (ofd_table (tables m)) t' i (retained n (Open o)) ->
  n = aliases fds' (Z.of_nat i) + pinned pins' (Z.of_nat i) -> n <= u32_max ->
  (forall k, k <> i -> aliases fds' (Z.of_nat k) + pinned pins' (Z.of_nat k)
     = aliases (fd_table (tables m)) (Z.of_nat k) + pinned (pins m) (Z.of_nat k)) ->
  (forall j entry, view fds' j = Fd.Open entry -> ofd_ref entry = Z.of_nat i \/ view (fd_table (tables m)) j = Fd.Open entry) ->
  (forall j, view fds' j = Fd.Reserved <-> view (fd_table (tables m)) j = Fd.Reserved) ->
  (forall slot id, In (slot, id) pins' -> slot = Z.of_nat i /\ id = ofd_id o \/ In (slot, id) (pins m)) ->
  member_ok pid (mkMember (mkProc fds' t') pins' (outstanding m)).
Proof.
  intros [M1 M2 M3 M4 M5 M6 M7 M8 M9] Ho Hwf Ht Hn Hmax Hother Hfds Hres Hpins.
  pose proof (aliases_nonneg fds' (Z.of_nat i)) as Ha. pose proof (pinned_nonneg pins' (Z.of_nat i)) as Hp.
  assert (forall k o', tview (ofd_table (tables m)) k = Open o' -> 0 < aliases fds' (Z.of_nat k) + pinned pins' (Z.of_nat k) ->
    exists o'', tview t' k = Open o'' /\ ofd_id o'' = ofd_id o') as Hstill.
  { intros k o' Hk Hpos. destruct (decide (k = i)) as [->|Hne]; [|exists o'; by rewrite (tview_other _ _ _ _ _ Ht)].
    rewrite (tview_same _ _ _ _ Ht). rewrite Ho in Hk. injection Hk as <-. simpl.
    rewrite (proj2 (Z.ltb_lt 0 n)) by lia. by eexists. }
  split; cbn [tables pins outstanding fd_table ofd_table].
  - done.
  - apply Ht.
  - intros j entry Hj. assert (exists k o', ofd_ref entry = Z.of_nat k /\ tview (ofd_table (tables m)) k = Open o') as (k & o' & Hk & Hk').
    { destruct (Hfds j entry Hj) as [->|Hv]; [by exists i, o|by eapply M3]. }
    destruct (Hstill k o' Hk') as (o'' & ? & _); [|by exists k, o''].
    assert (0 < aliases fds' (Z.of_nat k)) by (apply aliases_pos; [done|]; by exists j, entry). pose proof (pinned_nonneg pins' (Z.of_nat k)). lia.
  - intros slot id Hin. assert (exists k o', slot = Z.of_nat k /\ tview (ofd_table (tables m)) k = Open o' /\ ofd_id o' = id) as (k & o' & -> & Hk & <-).
    { destruct (Hpins slot id Hin) as [[-> ->]|?]; [by exists i, o|by apply M4]. }
    destruct (Hstill k o' Hk) as (o'' & ? & ?); [|by exists k, o''].
    assert (0 < pinned pins' (Z.of_nat k)) by (apply occurrences_pos; by apply (in_map fst) in Hin). pose proof (aliases_nonneg fds' (Z.of_nat k)). lia.
  - intros k o' Hk. destruct (decide (k = i)) as [->|Hne].
    + rewrite (tview_same _ _ _ _ Ht) in Hk. simpl in Hk. destruct (Z.ltb_spec 0 n); simplify_eq. simpl. lia.
    + rewrite (tview_other _ _ _ _ _ Ht) in Hk by done. rewrite Hother by done. by apply M5.
  - intros k. rewrite <- M6. destruct (decide (k = i)) as [->|Hne]; [|by rewrite (tview_other _ _ _ _ _ Ht)].
    rewrite (tview_same _ _ _ _ Ht), Ho. simpl. by destruct (0 <? n).
  - intros j. by rewrite Hres.
  - done.
  - done.
Qed.

(** The cells around such a change: the last reference drops the description. *)
Lemma recount_cells t t' i o o' n w R : tview t i = Open o -> tupdated t t' i (retained n (Open o)) -> key o' = key o ->
  cells_ok w (slot_keys (slots_of t) ++ R) ->
  moves (slot_keys (slots_of t') ++ R) (slot_keys (slots_of t') ++ R) w (if 0 <? n then w else drop_ofd o' w)
  /\ (forall k, In k (slot_keys (slots_of t') ++ R) -> In k (slot_keys (slots_of t) ++ R)).
Proof.
  intros Ho [_ _ (rest & P1 & P2)] Hk Hok. rewrite Ho in P1. simpl in P1, P2.
  assert (cells_ok w (key o' :: rest ++ R)) as Hok'.
  { eapply cells_ok_perm; [|exact Hok]. rewrite P1, Hk. done. }
  destruct (0 <? n); simpl in P2; split.
  - split; [|done|lia]. eapply cells_ok_perm; [|exact Hok]. by rewrite P1, P2.
  - intros k. rewrite <- !list_elem_of_In. by rewrite P1, P2.
  - destruct (drop_ofd_spec o' w _ Hok') as [[M1 M2 M3] _]. split; [| |done].
    + eapply cells_ok_perm; [|exact M1]. by rewrite P2.
    + eapply keeps_sub; [|exact M2]. intros k. rewrite <- !list_elem_of_In. by rewrite P2.
  - intros k. rewrite <- !list_elem_of_In. rewrite P1, P2. simpl. rewrite elem_of_cons. auto.
Qed.

Lemma inc_ref_spec t i o : buf_ok (entries t) -> tview t i = Open o -> 0 <= ref_count o < u32_max ->
  exists t', inc_ref i t = Some t' /\ tupdated t t' i (retained (ref_count o + 1) (Open o)).
Proof.
  intros Hb Ho Hr. unfold inc_ref. rewrite (proj2 (get_tview t i o) Ho). unfold checked_add.
  rewrite (proj2 (Z.leb_le _ _)) by lia. eexists. split; [done|]. simpl. rewrite (proj2 (Z.ltb_lt 0 _)) by lia.
  eapply set_slot_updated; [done|by apply lookup_tview].
Qed.

Lemma dec_ref_spec w t i o : buf_ok (entries t) -> tview t i = Open o -> 1 <= ref_count o ->
  exists w' t' o', dec_ref i (w, t) = Some ((w', t'), bool_decide (ref_count o = 1)) /\ key o' = key o
    /\ tupdated t t' i (retained (ref_count o - 1) (Open o))
    /\ w' = if 0 <? ref_count o - 1 then w else drop_ofd o' w.
Proof.
  intros Hb Ho Hr. unfold dec_ref. cbn [fst snd]. rewrite (proj2 (get_tview t i o) Ho).
  destruct (Z.eqb_spec (ref_count o) 0); [lia|]. cbn [ref_count with_ref_count].
  pose proof (lookup_tview _ _ _ Ho) as Hl. destruct (Z.eqb_spec (ref_count o - 1) 0) as [H1|H1].
  - rewrite bool_decide_eq_true_2 by lia. simpl retained. rewrite (proj2 (Z.ltb_ge 0 _)) by lia.
    eexists _, _, (with_ref_count o (ref_count o - 1)). split_and!; [done|done| |done]. by eapply set_slot_updated.
  - rewrite bool_decide_eq_false_2 by lia. simpl retained. rewrite (proj2 (Z.ltb_lt 0 _)) by lia.
    eexists _, _, o. split_and!; [done|done| |done]. by eapply set_slot_updated.
Qed.

(** A reference taken and given back leaves the table as it was. *)
Lemma inc_dec_same w t t' i o : tview t i = Open o -> 1 <= ref_count o -> inc_ref i t = Some t' ->
  dec_ref i (w, t') = Some ((w, t), false).
Proof.
  intros Ho Hr. unfold inc_ref. rewrite (proj2 (get_tview t i o) Ho). split_checked Hc; [|done]. intros [= <-].
  apply lookup_tview in Ho. pose proof (lookup_lt_Some _ _ _ Ho) as Hi. unfold dec_ref, get, set_slot, slots_of in *.
  cbn [fst snd entries values]. rewrite list_lookup_insert_eq by done. cbn [ref_count with_ref_count].
  destruct (Z.eqb_spec (ref_count o + 1) 0); [lia|]. destruct (Z.eqb_spec (ref_count o + 1 - 1) 0); [lia|].
  do 2 f_equal. f_equal. cbn [entries capacity]. rewrite list_insert_insert_eq.
  replace (ref_count o + 1 - 1) with (ref_count o) by lia. rewrite list_insert_id by (rewrite Ho; by destruct o).
  by destruct t as [[]].
Qed.

(** ** Steps of one process

    [R] are the descriptions of the other processes. *)

(** An operation that opens nothing new: the descriptions that are left were
    there before, and their cells hold what they held. *)
Record evolves (pid : Z) (R : list Key) (m : Member) (w : World) (m' : Member) (w' : World) : Prop := {
  ev_member : member_ok pid m';
  ev_moves : moves (member_keys m' ++ R) (member_keys m' ++ R) w w';
  ev_keys : forall k, In k (member_keys m' ++ R) -> In k (member_keys m ++ R);
}.

Lemma evolves_refl pid R m w : member_ok pid m -> cells_ok w (member_keys m ++ R) -> evolves pid R m w m w.
Proof. intros H1 H2. split; [done| |done]. split; [done|done|lia]. Qed.

Lemma evolves_trans pid R m1 w1 m2 w2 m3 w3 : evolves pid R m1 w1 m2 w2 -> evolves pid R m2 w2 m3 w3 -> evolves pid R m1 w1 m3 w3.
Proof.
  intros [A1 A2 A3] [B1 B2 B3]. split; [done| |auto]. by eapply moves_trans; [|exact A2|exact B2].
Qed.

Lemma member_eta m : mkMember (mkProc (fd_table (tables m)) (ofd_table (tables m))) (pins m) (outstanding m) = m.
Proof. by destruct m as [[]]. Qed.

(** The cell and member parts of a changed number of references. *)
Lemma recount_evolves pid R m w fds' t' pins' i o o' n : member_ok pid m -> cells_ok w (member_keys m ++ R) ->
  tview (ofd_table (tables m)) i = Open o -> tupdated (ofd_table (tables m)) t' i (retained n (Open o)) -> key o' = key o ->
  member_ok pid (mkMember (mkProc fds' t') pins' (outstanding m)) ->
  evolves pid R m w (mkMember (mkProc fds' t') pins' (outstanding m)) (if 0 <? n then w else drop_ofd o' w).
Proof.
  intros Hm Hok Ho Ht Hk Hm'. unfold member_keys in *. rewrite <- app_assoc in Hok.
  destruct (recount_cells _ _ _ _ _ _ _ _ Ho Ht Hk Hok) as [Hmv Hin].
  split; [done| |]; unfold member_keys; cbn [tables ofd_table outstanding]; rewrite <- !app_assoc; done.
Qed.

Section Steps.
Context (pid : Z) (R : list Key) (m : Member) (w : World).
Context (Hm : member_ok pid m) (Hok : cells_ok w (member_keys m ++ R)).

Definition fds := fd_table (tables m).
Definition ofds := ofd_table (tables m).

Lemma view_not_reserved_updated fds' j s k : updated fds fds' j s -> s <> Fd.Reserved -> view fds j <> Fd.Reserved ->
  view fds' k = Fd.Reserved <-> view fds k = Fd.Reserved.
Proof. intros [_ _ Hv] Hs Hj. rewrite Hv. case_decide as E; [subst k; tauto|done]. Qed.

Lemma evolves_same : evolves pid R m w (mkMember (tables m) (pins m) (outstanding m)) w.
Proof. destruct m. by apply evolves_refl. Qed.

(** The description a descriptor names. *)
Lemma named_description j entry : view fds j = Fd.Open entry ->
  exists i o, ofd_ref entry = Z.of_nat i /\ tview ofds i = Open o /\ 1 <= ref_count o <= u32_max.
Proof.
  intros Hj. destruct (mo_named _ _ Hm j entry Hj) as (i & o & Hi & Ho). exists i, o.
  by destruct (mo_counts _ _ Hm i o Ho) as [_ ?].
Qed.

(** One more descriptor for a description that has one. *)
Lemma alias_added fds' t' j i o flags : updated fds fds' j (Fd.Open (mkFdEntry (Z.of_nat i) flags)) -> view fds j = Fd.Free ->
  tview ofds i = Open o -> ref_count o < u32_max -> tupdated ofds t' i (retained (ref_count o + 1) (Open o)) ->
  evolves pid R m w (mkMember (mkProc fds' t') (pins m) (outstanding m)) w.
Proof.
  intros Hu Hj Ho Hr Ht. destruct (mo_counts _ _ Hm i o Ho) as [Hc Hrc].
  replace w with (if 0 <? ref_count o + 1 then w else drop_ofd o w) at 2 by (by rewrite (proj2 (Z.ltb_lt 0 _)) by lia).
  eapply recount_evolves; try done. eapply recount_ok; try done.
  - apply Hu.
  - rewrite (aliases_updated _ _ _ _ _ (mo_wf _ _ Hm) Hu), Hc. fold fds. rewrite Hj. simpl. rewrite Z.eqb_refl. lia.
  - lia.
  - intros k Hk. rewrite (aliases_updated _ _ _ _ _ (mo_wf _ _ Hm) Hu). fold fds. rewrite Hj. simpl.
    rewrite (proj2 (Z.eqb_neq _ _)) by lia. lia.
  - intros j' e Hv. rewrite (upd_view _ _ _ _ Hu) in Hv. case_decide; [left; by injection Hv as <-|by right].
  - intros k. apply (view_not_reserved_updated _ _ _ _ Hu); [done|by rewrite Hj].
  - auto.
Qed.

(** dup: the new descriptor is the lowest free number and one more reference;
    a failure leaves everything as it was. *)
Lemma sys_dup_spec size mem fd0 s' r : sys_dup size mem fd0 (w, tables m) = Some (s', r) ->
  fst s' = w /\ evolves pid R m w (mkMember (snd s') (pins m) (outstanding m)) w
  /\ match r with
     | Ok new_fd => exists i entry, lowest_free fds 0 i /\ new_fd = Z.of_nat i /\ Fd.get fds fd0 = Ok entry
         /\ updated fds (fd_table (snd s')) i (Fd.Open (mkFdEntry (ofd_ref entry) 0))
         /\ exists k o, ofd_ref entry = Z.of_nat k /\ tview ofds k = Open o
              /\ tupdated ofds (ofd_table (snd s')) k (Open (with_ref_count o (ref_count o + 1)))
     | Err _ => snd s' = tables m
     end.
Proof.
  unfold sys_dup, op_bind at 1 2, op_get, op_lift, id. cbn [fst snd]. fold fds.
  destruct (Fd.get fds fd0) as [entry|e] eqn:Eg; [|intros [= <- <-]; split_and!; [done|apply evolves_same|done]].
  pose proof Eg as (j & _ & Hj)%get_is_open. destruct (named_description _ _ Hj) as (i & o & Hi & Ho & Hr).
  rewrite Hi, Nat2Z.id. unfold op_bind at 1, retain_slot. cbn [fst snd]. fold ofds.
  destruct (Z.le_gt_cases u32_max (ref_count o)) as [Hmax|Hmax].
  { unfold inc_ref. rewrite (proj2 (get_tview _ _ _) Ho). unfold checked_add. by rewrite (proj2 (Z.leb_gt _ _)) by lia. }
  destruct (inc_ref_spec ofds i o (mo_buf _ _ Hm) Ho) as (t1 & Et & Ht); [lia|]. rewrite Et.
  unfold op_match, on_fds. cbn [fst snd fd_table ofd_table]. fold fds.
  destruct (claim_lowest_spec size mem 0 (Fd.Open (mkFdEntry (Z.of_nat i) 0)) fds (mo_wf _ _ Hm)) as (fds' & [n|e] & Ec & k & Hlow & Hc);
    change (Fd.alloc size mem (Z.of_nat i) 0 fds) with (claim_lowest size mem 0 (Fd.Open (mkFdEntry (Z.of_nat i) 0)) fds); rewrite Ec.
  - destruct Hc as (-> & _ & _ & Hu). intros [= <- <-]. cbn [fst snd fd_table]. split; [done|]. split.
    + eapply alias_added; try done. apply Hlow.
    + exists k, entry. rewrite Hi. split_and!; try done. exists i, o. split_and!; [done..|].
      simpl in Ht. by rewrite (proj2 (Z.ltb_lt 0 _)) in Ht by lia.
  - destruct Hc as [-> _]. unfold op_bind, release_slot. cbn [fst snd ofd_table fd_table].
    rewrite (inc_dec_same w ofds t1 i o) by (done || lia). intros [= <- <-]. cbn [fst snd].
    assert (mkProc fds ofds = tables m) as -> by (unfold fds, ofds; by destruct (tables m)).
    split_and!; [done|apply evolves_same|done].
Qed.

(** The copy of a descriptor at a number that is not open. *)
Lemma install_copy_spec size mem oldfd newfd s' r : (forall j e, newfd = Z.of_nat j -> view fds j <> Fd.Open e) ->
  install_copy size mem oldfd newfd (w, tables m) = Some (s', r) ->
  fst s' = w /\ evolves pid R m w (mkMember (snd s') (pins m) (outstanding m)) w
  /\ match r with
     | Ok fd1 => exists i entry, fd1 = newfd /\ newfd = Z.of_nat i /\ Fd.get fds oldfd = Ok entry
         /\ updated fds (fd_table (snd s')) i (Fd.Open (mkFdEntry (ofd_ref entry) 0))
     | Err _ => snd s' = tables m
     end.
Proof.
  intros Hclosed. unfold install_copy, op_bind at 1 2, op_get, op_lift, id. cbn [fst snd]. fold fds.
  destruct (Fd.get fds oldfd) as [entry|e] eqn:Eg; [|intros [= <- <-]; split_and!; [done|apply evolves_same|done]].
  pose proof Eg as (j & _ & Hj)%get_is_open. destruct (named_description _ _ Hj) as (i & o & Hi & Ho & Hr).
  rewrite Hi, Nat2Z.id. unfold op_bind at 1, retain_slot. cbn [fst snd]. fold ofds.
  destruct (Z.le_gt_cases u32_max (ref_count o)) as [Hmax|Hmax].
  { unfold inc_ref. rewrite (proj2 (get_tview _ _ _) Ho). unfold checked_add. by rewrite (proj2 (Z.leb_gt _ _)) by lia. }
  destruct (inc_ref_spec ofds i o (mo_buf _ _ Hm) Ho) as (t1 & Et & Ht); [lia|]. rewrite Et.
  unfold op_match, on_fds. cbn [fst snd fd_table ofd_table]. fold fds.
  destruct (set_at_spec size mem newfd (Z.of_nat i) 0 fds (mo_wf _ _ Hm)) as (fds' & [old|e] & -> & Hc).
  - destruct Hc as (k & -> & _ & Hnr & _ & Hu). intros [= <- <-]. cbn [fst snd fd_table]. split; [done|]. split; [|by exists k, entry; rewrite Hi].
    eapply alias_added; try done. specialize (Hclosed k). destruct (view fds k) as [| |e] eqn:Ek; [done|done|by destruct (Hclosed e)].
  - destruct Hc as [-> _]. unfold op_bind, release_slot. cbn [fst snd ofd_table fd_table].
    rewrite (inc_dec_same w ofds t1 i o) by (done || lia). intros [= <- <-]. cbn [fst snd].
    assert (mkProc fds ofds = tables m) as -> by (unfold fds, ofds; by destruct (tables m)).
    split_and!; [done|apply evolves_same|done].
Qed.

(** close: the number is free, and the description loses one reference. *)
Lemma close_descriptor_spec fd0 : exists s' r, close_descriptor fd0 (w, tables m) = Some (s', r)
  /\ evolves pid R m w (mkMember (snd s') (pins m) (outstanding m)) (fst s')
  /\ match r with
     | Ok freed => exists j i entry o o', fd0 = Z.of_nat j /\ view fds j = Fd.Open entry /\ ofd_ref entry = Z.of_nat i
         /\ tview ofds i = Open o /\ freed = bool_decide (ref_count o = 1) /\ key o' = key o
         /\ fst s' = (if 0 <? ref_count o - 1 then w else drop_ofd o' w)
         /\ updated fds (fd_table (snd s')) j Fd.Free
         /\ tupdated ofds (ofd_table (snd s')) i (retained (ref_count o - 1) (Open o))
     | Err e => e = EBADF /\ s' = (w, tables m) /\ Fd.get fds fd0 = Err EBADF
     end.
Proof.
  unfold close_descriptor, op_bind, on_fds. cbn [fst snd]. fold fds ofds.
  destruct (free_spec fd0 fds (mo_wf _ _ Hm)) as (fds' & [slot|e] & -> & H).
  2: { destruct H as (-> & -> & Hg). exists (w, tables m), (Err EBADF).
       assert (mkProc fds ofds = tables m) as -> by (unfold fds, ofds; by destruct (tables m)).
       split_and!; [done|apply evolves_same|done..]. }
  destruct H as (j & entry & -> & Hj & -> & Hu). destruct (named_description _ _ Hj) as (i & o & Hi & Ho & Hr).
  rewrite Hi, Nat2Z.id. unfold release_slot. cbn [fst snd ofd_table fd_table].
  destruct (dec_ref_spec w ofds i o (mo_buf _ _ Hm) Ho) as (w' & t' & o' & -> & Hk & Ht & ->); [lia|].
  eexists _, (Ok _). split; [done|]. cbn [fst snd fd_table ofd_table]. split; [|by exists j, i, entry, o, o'].
  destruct (mo_counts _ _ Hm i o Ho) as [Hc _]. fold fds in Hc. eapply recount_evolves; try done. eapply recount_ok; try done.
  - apply Hu.
  - rewrite (aliases_updated _ _ _ _ _ (mo_wf _ _ Hm) Hu). fold fds. rewrite Hj, Hc. simpl. rewrite Hi, Z.eqb_refl. lia.
  - lia.
  - intros k Hk'. rewrite (aliases_updated _ _ _ _ _ (mo_wf _ _ Hm) Hu). fold fds. rewrite Hj. simpl. rewrite Hi.
    rewrite (proj2 (Z.eqb_neq _ _)) by lia. lia.
  - intros j' e Hv. rewrite (upd_view _ _ _ _ Hu) in Hv. case_decide; [done|by right].
  - intros k. apply (view_not_reserved_updated _ _ _ _ Hu); [done|by rewrite Hj].
  - auto.
Qed.

(** A pin: refused for another identity, otherwise one more reference. *)
Lemma pin_description_spec i ident : exists s' r, pin_description i ident (w, tables m) = Some (s', r)
  /\ evolves pid R m w (mkMember (snd s') (match r with Ok _ => (Z.of_nat i, ident) :: pins m | Err _ => pins m end)
       (outstanding m)) w
  /\ fst s' = w /\ match r with
     | Ok _ => exists o, tview ofds i = Open o /\ ofd_id o = ident
     | Err e => s' = (w, tables m) /\ (e = EBADF <-> forall o, tview ofds i = Open o -> ofd_id o <> ident)
     end.
Proof.
  unfold pin_description, try_inc_ref_exact, ok_or. cbn [fst snd]. fold fds ofds.
  assert (mkProc fds ofds = tables m) as Heta by (unfold fds, ofds; by destruct (tables m)).
  destruct (get ofds i) as [o|] eqn:Eo.
  2: { exists (w, tables m), (Err EBADF). rewrite Heta. split_and!; [done|apply evolves_same|done|done|]. split; [|done].
       intros _ o Ho%get_tview. congruence. }
  apply get_tview in Eo. destruct (mo_counts _ _ Hm i o Eo) as [Hc Hr]. fold fds in Hc.
  destruct (Z.eqb_spec (ofd_id o) ident) as [Hid|Hid]; cbn [negb].
  2: { exists (w, tables m), (Err EBADF). rewrite Heta. split_and!; [done|apply evolves_same|done|done|]. split; [|done].
       intros _ o' Ho'. rewrite Eo in Ho'. by injection Ho' as <-. }
  split_checked Hmax.
  2: { exists (w, tables m), (Err EOVERFLOW). rewrite Heta. split_and!; [done|apply evolves_same|done|done|]. split; [done|].
       intros Hno. by destruct (Hno o Eo). }
  eexists _, (Ok tt). split; [done|]. cbn [fst snd]. split_and!; [|done|by exists o].
  assert (tupdated ofds (set_slot i (Open (with_ref_count o (ref_count o + 1))) ofds) i (retained (ref_count o + 1) (Open o))) as Ht.
  { simpl. rewrite (proj2 (Z.ltb_lt 0 _)) by lia. eapply set_slot_updated; [apply Hm|by apply lookup_tview]. }
  replace w with (if 0 <? ref_count o + 1 then w else drop_ofd o w) at 2 by (by rewrite (proj2 (Z.ltb_lt 0 _)) by lia).
  eapply recount_evolves; try done. eapply recount_ok; try done.
  - apply Hm.
  - rewrite pinned_cons, Z.eqb_refl, Hc. lia.
  - intros k Hk. rewrite pinned_cons, (proj2 (Z.eqb_neq _ _)) by lia. done.
  - auto.
  - intros slot id0 [[= <- <-]|Hin]; [by left; rewrite Hid|by right].
Qed.

(** A pin released. *)
Lemma description_unpin_spec l1 slot ident l2 : pins m = l1 ++ (slot, ident) :: l2 ->
  exists i o o' s', slot = Z.of_nat i /\ tview ofds i = Open o /\ ofd_id o = ident /\ key o' = key o
    /\ release_slot (Z.to_nat slot) (w, tables m) = Some (s', Ok (bool_decide (ref_count o = 1)))
    /\ fst s' = (if 0 <? ref_count o - 1 then w else drop_ofd o' w)
    /\ fd_table (snd s') = fds
    /\ evolves pid R m w (mkMember (snd s') (l1 ++ l2) (outstanding m)) (fst s').
Proof.
  intros Hp. destruct (mo_pins _ _ Hm slot ident) as (i & o & -> & Ho & Hid); [rewrite Hp; apply in_elt|].
  destruct (mo_counts _ _ Hm i o Ho) as [Hc Hr]. fold fds in Hc. fold ofds in Ho.
  rewrite Nat2Z.id. unfold release_slot. cbn [fst snd]. fold ofds fds.
  destruct (dec_ref_spec w ofds i o (mo_buf _ _ Hm) Ho) as (w' & t' & o' & -> & Hk & Ht & ->); [lia|].
  eexists i, o, o', _. cbn [fst snd fd_table]. split_and!; [done..|].
  eapply recount_evolves; try done. eapply recount_ok; try done.
  - apply Hm.
  - rewrite Hc, Hp, pinned_middle, Z.eqb_refl. lia.
  - lia.
  - intros k Hk'. rewrite Hp, pinned_middle, (proj2 (Z.eqb_neq _ _)) by lia. done.
  - auto.
  - intros s0 id0 Hin. right. rewrite Hp. rewrite in_app_iff in *. simpl. tauto.
Qed.
(** Nothing refers to a slot that is not open. *)
Lemma unreferenced i : (forall o, tview ofds i <> Open o) -> aliases fds (Z.of_nat i) = 0 /\ pinned (pins m) (Z.of_nat i) = 0.
Proof.
  intros Hn. pose proof (aliases_nonneg fds (Z.of_nat i)). pose proof (pinned_nonneg (pins m) (Z.of_nat i)). split.
  - destruct (Z.eq_dec (aliases fds (Z.of_nat i)) 0) as [|Hne]; [done|]. exfalso.
    destruct (proj1 (aliases_pos fds (Z.of_nat i) (mo_wf _ _ Hm))) as (j & e & Hj & He); [lia|].
    destruct (mo_named _ _ Hm j e Hj) as (i' & o & Hi & Ho). rewrite He in Hi. apply Nat2Z.inj in Hi as <-. by apply (Hn o).
  - apply occurrences_zero. intros ([slot id0] & Hs & Hin)%in_map_iff. simpl in Hs. subst slot.
    destruct (mo_pins _ _ Hm _ _ Hin) as (i' & o & Hi & Ho & _). apply Nat2Z.inj in Hi as <-. by apply (Hn o).
Qed.

(** Both slots of a new descriptor reserved. *)
Lemma descriptor_reserved_ok fds' t' j d : updated fds fds' j Fd.Reserved -> view fds j = Fd.Free ->
  tupdated ofds t' (index (ofd d)) Reserved -> tview ofds (index (ofd d)) = Free ->
  fd d = Z.of_nat j -> prepared_pid d = pid -> ref_count (value (ofd d)) = 1 ->
  member_ok pid (mkMember (mkProc fds' t') (pins m) (d :: outstanding m)).
Proof.
  intros Hu Hj Ht Hi Hd Hp Hr. pose proof Hm as [M1 M2 M3 M4 M5 M6 M7 M8 M9]. fold fds ofds in *.
  assert (forall k o, tview ofds k = Open o -> tview t' k = Open o) as Hopen.
  { intros k o Hk. rewrite (tview_other _ _ _ _ _ Ht); [done|]. intros ->. congruence. }
  assert (forall slot, aliases fds' slot = aliases fds slot) as Ha.
  { intros slot. rewrite (aliases_updated _ _ _ _ _ M1 Hu), Hj. simpl. lia. }
  split; cbn [tables pins outstanding fd_table ofd_table].
  - apply Hu.
  - apply Ht.
  - intros j' e Hv. rewrite (upd_view _ _ _ _ Hu) in Hv. case_decide; [done|].
    destruct (M3 _ _ Hv) as (i & o & ? & ?). exists i, o. auto.
  - intros slot id0 Hin. destruct (M4 _ _ Hin) as (i & o & ? & ? & ?). exists i, o. auto.
  - intros k o Hk. destruct (decide (k = index (ofd d))) as [->|Hne]; [by rewrite (tview_same _ _ _ _ Ht) in Hk|].
    rewrite (tview_other _ _ _ _ _ Ht) in Hk by done. rewrite Ha. by apply M5.
  - intros k. simpl. rewrite <- M6. destruct (decide (k = index (ofd d))) as [->|Hne].
    + rewrite (tview_same _ _ _ _ Ht). tauto.
    + rewrite (tview_other _ _ _ _ _ Ht) by done. intuition congruence.
  - intros k. simpl. rewrite <- M7, Hd, (upd_view _ _ _ _ Hu). case_decide as E; [subst k; tauto|].
    split; [by right|]. intros [?|?]; [lia|done].
  - simpl. rewrite Hd. destruct M8 as [N1 N2]. split; constructor; try done.
    + rewrite list_elem_of_In, <- M6. congruence.
    + rewrite list_elem_of_In, <- M7. congruence.
  - intros d' [<-|Hin]; [|by apply M9]. split_and!; [done|done|lia].
Qed.

(** The description of a published descriptor, or nothing for a cancelled one. *)
Definition resolution (i : nat) (sf : FdSlot) (so : OfdSlot) : Prop :=
  (exists flags v, sf = Fd.Open (mkFdEntry (Z.of_nat i) flags) /\ so = Open v /\ ref_count v = 1)
  \/ sf = Fd.Free /\ so = Free.

Lemma resolved_ok l1 d l2 fds' t' j sf so : outstanding m = l1 ++ d :: l2 -> fd d = Z.of_nat j ->
  updated fds fds' j sf -> tupdated ofds t' (index (ofd d)) so -> resolution (index (ofd d)) sf so ->
  member_ok pid (mkMember (mkProc fds' t') (pins m) (l1 ++ l2)).
Proof.
  intros Hout Hd Hu Ht Hres. pose proof Hm as [M1 M2 M3 M4 M5 M6 M7 M8 M9]. fold fds ofds in *. set (i := index (ofd d)) in *.
  assert (view fds j = Fd.Reserved) as Hj by (apply M7; rewrite Hout, map_app, <- Hd; apply in_elt).
  assert (tview ofds i = Reserved) as Hi by (apply M6; rewrite Hout, map_app; apply in_elt).
  destruct (unreferenced i) as [Ha0 Hp0]; [by rewrite Hi|].
  assert (forall k o, tview ofds k = Open o -> tview t' k = Open o) as Hopen.
  { intros k o Hk. rewrite (tview_other _ _ _ _ _ Ht); [done|]. intros ->. congruence. }
  assert (forall k, aliases fds' (Z.of_nat k) = aliases fds (Z.of_nat k) + (if decide (k = i) then names (Z.of_nat k) sf else 0)) as Ha.
  { intros k. rewrite (aliases_updated _ _ _ _ _ M1 Hu), Hj. simpl. case_decide as E; [lia|].
    destruct Hres as [(fl & v & -> & _)|[-> _]]; simpl; [|lia]. rewrite (proj2 (Z.eqb_neq _ _)) by lia. lia. }
  rewrite Hout in M6, M7, M8, M9. rewrite !map_app in M8. simpl in M8. destruct M8 as [N1 N2].
  apply NoDup_app in N1 as (N1a & N1b & [N1c N1d]%NoDup_cons). apply NoDup_app in N2 as (N2a & N2b & [N2c N2d]%NoDup_cons).
  split; cbn [tables pins outstanding fd_table ofd_table].
  - apply Hu.
  - apply Ht.
  - intros j' e Hv. rewrite (upd_view _ _ _ _ Hu) in Hv. case_decide as E.
    + destruct Hres as [(fl & v & -> & -> & _)|[-> _]]; [|done]. injection Hv as <-. exists i, v. split; [done|by apply tview_same in Ht].
    + destruct (M3 _ _ Hv) as (k & o & ? & ?). exists k, o. auto.
  - intros slot id0 Hin. destruct (M4 _ _ Hin) as (k & o & ? & ? & ?). exists k, o. auto.
  - intros k o Hk. rewrite Ha. case_decide as E.
    + subst k. rewrite (tview_same _ _ _ _ Ht) in Hk. rewrite Ha0, Hp0.
      destruct Hres as [(fl & v & -> & -> & Hr)|[_ ->]]; [|done]. injection Hk as <-. simpl. rewrite Z.eqb_refl, Hr. unfold u32_max. lia.
    + rewrite (tview_other _ _ _ _ _ Ht) in Hk by done. rewrite Z.add_0_r. by apply M5.
  - intros k. specialize (M6 k). rewrite map_app, in_app_iff in *. simpl in M6. destruct (decide (k = i)) as [->|Hne].
    + rewrite (tview_same _ _ _ _ Ht). rewrite <- !list_elem_of_In.
      assert (so <> Reserved) by (destruct Hres as [(? & ? & _ & -> & _)|[_ ->]]; done).
      split; [done|]. intros [Hx|Hx]; [by destruct (N1b _ Hx); left|done].
    + rewrite (tview_other _ _ _ _ _ Ht) by done. rewrite M6. split; [intros [?|[?|?]]; [by left|by destruct Hne|by right]|tauto].
  - intros k. specialize (M7 k). rewrite map_app, in_app_iff in *. simpl in M7. rewrite (upd_view _ _ _ _ Hu). case_decide as E.
    + subst k. rewrite <- Hd, <- !list_elem_of_In.
      assert (sf <> Fd.Reserved) by (destruct Hres as [(? & ? & -> & _)|[-> _]]; done).
      split; [done|]. intros [Hx|Hx]; [by destruct (N2b _ Hx); left|done].
    + rewrite M7, Hd. split; [intros [?|[?|?]]; [by left|lia|by right]|tauto].
  - rewrite !map_app. split; apply NoDup_app; split_and!; try done.
    + intros x Hx Hx'. apply (N1b x Hx). by right.
    + intros x Hx Hx'. apply (N2b x Hx). by right.
  - intros d' Hin. apply M9. rewrite in_app_iff in *. simpl. tauto.
Qed.
(** A descriptor prepared: a new identity and a new cell; a failure leaves the
    tables with the same slots. *)
Lemma prepare_descriptor_spec sf so mem kind flags name : last_ofd_id w < u64_max ->
  exists s' r, prepare_descriptor pid sf so mem kind flags name (w, tables m) = Some (s', r)
  /\ match r with
     | Ok d => let m' := mkMember (snd s') (pins m) (d :: outstanding m) in
         member_ok pid m' /\ key (value (ofd d)) = mkKey (last_ofd_id w + 1) (next_cell w) None
         /\ last_ofd_id (fst s') = last_ofd_id w + 1
         /\ cell_at (states (fst s')) (next_cell w) = Some (mkShared flags 0 0 0 None)
         /\ (forall k, In k (member_keys m ++ R) -> key_state k <> next_cell w)
         /\ moves (member_keys m ++ R) (member_keys m' ++ R) w (fst s')
         /\ (forall k, In k (member_keys m' ++ R) -> k = key (value (ofd d)) \/ In k (member_keys m ++ R))
         /\ (forall j e, view (fd_table (snd s')) j = Fd.Open e <-> view fds j = Fd.Open e)
         /\ file_type (value (ofd d)) = kind
     | Err _ => let m' := mkMember (snd s') (pins m) (outstanding m) in
         evolves pid R m w m' (fst s') /\ ofd_table (snd s') = ofds /\ (forall j, view (fd_table (snd s')) j = view fds j)
     end.
Proof.
  intros Hl. unfold prepare_descriptor, op_bind at 1, on_fds at 1. cbn [fst snd]. fold fds ofds.
  destruct (claim_lowest_spec sf (fd_memory mem) 0 Fd.Reserved fds (mo_wf _ _ Hm)) as (fds1 & [n|e] & Ec & j & Hlow & Hc);
    change (Fd.reserve sf (fd_memory mem) fds) with (claim_lowest sf (fd_memory mem) 0 Fd.Reserved fds); rewrite Ec.
  2: { destruct Hc as [-> _]. eexists _, (Err e). split; [done|]. cbn [fst snd fd_table ofd_table].
       assert (mkProc fds ofds = tables m) as -> by (unfold fds, ofds; by destruct (tables m)).
       split_and!; [apply evolves_same|done..]. }
  destruct Hc as (-> & _ & _ & Hu). destruct Hlow as (_ & Hj & _).
  unfold op_match, on_ofds at 1. cbn [fst snd ofd_table fd_table].
  destruct (prepare_table_spec so (path_admitted mem) (state_admitted mem) (ofd_memory mem) kind flags name w ofds _
    Hok (mo_buf _ _ Hm) Hl) as (w' & t' & [p|e] & -> & _ & Hp).
  - destruct Hp as (Hk & Hr & Hft & Hcell & Hlast & Hfresh & Hmv & Hi & Ht). eexists _, (Ok _). split; [done|].
    cbn [fst snd ofd fd_table]. set (d := mkPreparedDescriptor pid (Z.of_nat j) p).
    assert (member_keys (mkMember (mkProc fds1 t') (pins m) (d :: outstanding m)) ++ R ≡ₚ key (value p) :: member_keys m ++ R) as Hperm.
    { unfold member_keys. cbn [tables ofd_table outstanding map]. destruct (tu_keys _ _ _ _ Ht) as (rest & P1 & P2).
      rewrite Hi in P1. simpl in P1, P2. fold ofds. rewrite P1, P2. rewrite <- !app_assoc. simpl. symmetry. apply Permutation_middle. }
    split_and!; try done.
    + by apply (descriptor_reserved_ok fds1 t' j d).
    + destruct Hmv as [V1 V2 V3]. split; [|done|done]. eapply cells_ok_perm; [symmetry; exact Hperm|done].
    + intros k. rewrite <- !list_elem_of_In, Hperm. by rewrite elem_of_cons.
    + intros j' e. rewrite (upd_view _ _ _ _ Hu). case_decide as E; [subst j'; by rewrite Hj|done].
  - destruct Hp as [-> Hmv]. unfold op_bind, on_fds. cbn [fst snd fd_table ofd_table].
    assert (view fds1 j = Fd.Reserved) as Hv1 by (by rewrite (upd_view _ _ _ _ Hu), decide_True).
    destruct (Fd.release_spec j fds1 (upd_wf _ _ _ _ Hu) Hv1) as (fds2 & -> & Hu2). eexists _, (Err e). split; [done|].
    cbn [fst snd fd_table ofd_table].
    assert (forall k, view fds2 k = view fds k) as Hsame.
    { intros k. rewrite (upd_view _ _ _ _ Hu2). case_decide as E; [subst k; by rewrite Hj|].
      by rewrite (upd_view _ _ _ _ Hu), decide_False. }
    split_and!; [|done|done]. split; [|done|done]. pose proof Hm as [M1 M2 M3 M4 M5 M6 M7 M8 M9]. fold fds ofds in *.
    split; cbn [tables pins outstanding fd_table ofd_table]; try done.
    + apply Hu2.
    + intros k e'. rewrite Hsame. apply M3.
    + intros k o Ho. rewrite (aliases_same fds fds2 _ M1 (upd_wf _ _ _ _ Hu2) Hsame). by apply M5.
    + intros k. rewrite Hsame. apply M7.
Qed.

(** The slots of a descriptor in progress. *)
Lemma outstanding_slots l1 d l2 : outstanding m = l1 ++ d :: l2 ->
  exists j, fd d = Z.of_nat j /\ view fds j = Fd.Reserved /\ tview ofds (index (ofd d)) = Reserved
    /\ prepared_pid d = pid /\ ref_count (value (ofd d)) = 1
    /\ forall s, slot_keys (slots_of (set_slot (index (ofd d)) s ofds)) ≡ₚ slot_keys [s] ++ slot_keys (slots_of ofds).
Proof.
  intros Hout. destruct (mo_values _ _ Hm d) as (H1 & H2 & H3); [rewrite Hout; apply in_elt|].
  assert (tview ofds (index (ofd d)) = Reserved) as Hi.
  { apply (mo_slots _ _ Hm). rewrite Hout, map_app. apply in_elt. }
  exists (Z.to_nat (fd d)). split_and!; [lia| |done..|].
  - apply (mo_fds _ _ Hm). rewrite Hout, map_app, Z2Nat.id by lia. apply in_elt.
  - intros s. pose proof (lookup_tview_reserved _ _ Hi) as Hl.
    destruct (tu_keys _ _ _ _ (set_slot_updated ofds (index (ofd d)) s _ (mo_buf _ _ Hm) Hl)) as (rest & P1 & P2).
    rewrite Hi in P1. simpl in P1. by rewrite P2, P1.
Qed.

(** A descriptor in progress is published without panicking. *)
Lemma publish_descriptor_spec l1 d l2 handle flags : outstanding m = l1 ++ d :: l2 ->
  exists p', publish_descriptor pid d handle flags (w, tables m) = Some ((w, p'), Ok (fd d))
    /\ evolves pid R m w (mkMember p' (pins m) (l1 ++ l2)) w
    /\ exists j, fd d = Z.of_nat j /\ updated fds (fd_table p') j (Fd.Open (mkFdEntry (Z.of_nat (index (ofd d))) flags))
       /\ tupdated ofds (ofd_table p') (index (ofd d)) (Open (with_host_handle (value (ofd d)) handle)).
Proof.
  intros Hout. destruct (outstanding_slots _ _ _ Hout) as (j & Hd & Hj & Hi & Hp & Hr & Hperm).
  pose proof (lookup_tview_reserved _ _ Hi) as Hl.
  unfold publish_descriptor, op_bind, op_assert, on_ofds. cbn [fst snd]. fold fds ofds.
  rewrite (proj2 (Z.eqb_eq _ _) Hp). unfold publish. cbn [fst snd]. fold fds ofds. rewrite Hl.
  unfold op_match, on_fds. cbn [fst snd fd_table ofd_table]. fold fds ofds.
  destruct (install_spec (fd d) (Z.of_nat (index (ofd d))) flags fds (mo_wf _ _ Hm)) as (fds' & [[]|e] & -> & H).
  2: { destruct H as (_ & _ & H). by destruct (H j Hd). }
  destruct H as (j' & Hd' & _ & Hu). eexists. split; [done|]. cbn [fd_table ofd_table].
  set (v := with_host_handle (value (ofd d)) handle).
  assert (tupdated ofds (set_slot (index (ofd d)) (Open v) ofds) (index (ofd d)) (Open v)) as Ht by (eapply set_slot_updated; [apply Hm|done]).
  split; [|by exists j'].
  assert (member_keys (mkMember (mkProc fds' (set_slot (index (ofd d)) (Open v) ofds)) (pins m) (l1 ++ l2)) ≡ₚ member_keys m) as HK.
  { unfold member_keys. cbn [tables ofd_table outstanding]. fold ofds. rewrite Hperm, Hout, !map_app. simpl.
    change (key v) with (key (value (ofd d))). by rewrite <- !Permutation_middle. }
  split.
  - eapply resolved_ok; [exact Hout|exact Hd'|exact Hu|exact Ht|]. left. by exists flags, v.
  - split; [|done|lia]. eapply cells_ok_perm; [|exact Hok]. by rewrite HK.
  - intros k. rewrite <- !list_elem_of_In. by rewrite HK.
Qed.

(** A descriptor in progress is cancelled without panicking. *)
Lemma cancel_descriptor_spec l1 d l2 : outstanding m = l1 ++ d :: l2 ->
  exists p', cancel_descriptor pid d (w, tables m) = Some ((drop_ofd (value (ofd d)) w, p'), Ok tt)
    /\ evolves pid R m w (mkMember p' (pins m) (l1 ++ l2)) (drop_ofd (value (ofd d)) w)
    /\ forall j e, view (fd_table p') j = Fd.Open e <-> view fds j = Fd.Open e.
Proof.
  intros Hout. destruct (outstanding_slots _ _ _ Hout) as (j & Hd & Hj & Hi & Hp & Hr & Hperm).
  pose proof (lookup_tview_reserved _ _ Hi) as Hl.
  unfold cancel_descriptor, op_bind, op_assert, on_ofds. cbn [fst snd]. fold fds ofds.
  rewrite (proj2 (Z.eqb_eq _ _) Hp). unfold cancel. cbn [fst snd]. fold fds ofds. rewrite Hl.
  unfold on_fds. cbn [fst snd fd_table ofd_table]. fold fds ofds. rewrite Hd.
  destruct (Fd.release_spec j fds (mo_wf _ _ Hm) Hj) as (fds' & -> & Hu). eexists. split; [done|].
  assert (tupdated ofds (set_slot (index (ofd d)) Free ofds) (index (ofd d)) Free) as Ht by (eapply set_slot_updated; [apply Hm|done]).
  assert (member_keys m ++ R ≡ₚ key (value (ofd d)) ::
    member_keys (mkMember (mkProc fds' (set_slot (index (ofd d)) Free ofds)) (pins m) (l1 ++ l2)) ++ R) as HK.
  { unfold member_keys. cbn [tables ofd_table outstanding]. fold ofds. rewrite (Hperm Free), Hout, !map_app. simpl.
    rewrite <- !app_assoc. simpl. rewrite <- !Permutation_middle. done. }
  destruct (drop_ofd_spec (value (ofd d)) w _ (cells_ok_perm _ _ _ HK Hok)) as [Hmv _]. split; [split|].
  - eapply resolved_ok; [exact Hout|exact Hd|exact Hu|exact Ht|]. by right.
  - done.
  - intros k. rewrite <- !list_elem_of_In, HK, elem_of_cons. by right.
  - intros k e. cbn [fd_table]. rewrite (upd_view _ _ _ _ Hu). case_decide as E; [subst k; by rewrite Hj|done].
Qed.
(** ** Spawn *)

Lemma aliases_inherited fds' slot : wf fds' -> (forall j, view fds' j = inherited (view fds j)) ->
  aliases fds' slot = aliases fds slot.
Proof.
  intros Hwf Hv. set (n := Nat.max (slot_count fds) (slot_count fds')).
  rewrite (aliases_sum fds slot n), (aliases_sum fds' slot n) by (apply Hm || done || lia).
  apply sum_to_ext. intros j _. rewrite Hv. by destruct (view fds j).
Qed.

Lemma copied_tview t' i : Forall2 copied (slots_of ofds) (slots_of t') ->
  match tview t' i with
  | Open o' => exists o, tview ofds i = Open o /\ key o' = key o
  | Reserved => False
  | Free => forall o, tview ofds i <> Open o
  end.
Proof.
  intros H. unfold tview. destruct (slots_of t' !! i) as [s'|] eqn:E; simpl.
  - destruct (Forall2_lookup_r _ _ _ _ _ H E) as (s & Hs & Hc). rewrite Hs. simpl. inversion Hc; subst; [done|]. by eexists.
  - apply Forall2_length in H. rewrite lookup_ge_None_2; [done|]. apply lookup_ge_None_1 in E. lia.
Qed.

Lemma reset_iterators_tview w' t i : tview (reset_iterators w' t) i
  = match tview t i with Open o => Open (reset_directory_iterator_for_reopen w' o) | s => s end.
Proof. unfold reset_iterators, tview, slots_of. cbn [entries values]. rewrite list_lookup_fmap. by destruct (values (entries t) !! i) as [[]|]. Qed.

Lemma reset_iterators_keys w' t : slot_keys (slots_of (reset_iterators w' t)) = slot_keys (slots_of t).
Proof.
  unfold reset_iterators, slots_of. cbn [entries values]. induction (values (entries t)) as [|[| |o] l IH]; simpl; [done|done|done|].
  by rewrite IH, reset_key.
Qed.

(** What slot [i] of the child holds: the parent's description, in the same
    cell, counting the child's descriptors, if a descriptor names it. *)
Definition spawned (fds' : FdTable) (child : OfdTable) (i : nat) : Prop :=
  if 0 <? aliases fds (Z.of_nat i)
  then exists o o', tview ofds i = Open o /\ tview child i = Open o' /\ key o' = key o
         /\ ref_count o' = aliases fds' (Z.of_nat i)
  else tview child i = Free.

Lemma spawned_ok cpid fds' child : wf fds' -> (forall j, view fds' j = inherited (view fds j)) ->
  buf_ok (entries child) -> (forall i, spawned fds' child i) ->
  member_ok cpid (mkMember (mkProc fds' child) [] []).
Proof.
  intros Hwf Hv Hb Hs. assert (forall slot, aliases fds' slot = aliases fds slot) as Ha by (intros; by apply aliases_inherited).
  assert (forall i, 0 < aliases fds (Z.of_nat i) -> exists o', tview child i = Open o') as Hopen.
  { intros i Hi. specialize (Hs i). unfold spawned in Hs. rewrite (proj2 (Z.ltb_lt _ _) Hi) in Hs.
    destruct Hs as (o & o' & _ & ? & _). by exists o'. }
  split; cbn [tables pins outstanding fd_table ofd_table map]; try done.
  - intros j entry Hj. rewrite Hv in Hj. assert (view fds j = Fd.Open entry) as Hj' by (by destruct (view fds j)).
    destruct (mo_named _ _ Hm j entry Hj') as (i & o & Hi & _).
    destruct (Hopen i) as (o' & ?); [|by exists i, o']. apply aliases_pos; [apply Hm|]. by exists j, entry.
  - intros i o Ho. specialize (Hs i). unfold spawned in Hs. destruct (Z.ltb_spec 0 (aliases fds (Z.of_nat i))) as [Hpos|]; [|congruence].
    destruct Hs as (o0 & o' & Ho0 & Ho' & _ & Hc). rewrite Ho in Ho'. injection Ho' as <-. rewrite Hc.
    destruct (mo_counts _ _ Hm i o0 Ho0) as [Hc0 Hr]. fold fds in Hc0. rewrite Ha.
    pose proof (pinned_nonneg (pins m) (Z.of_nat i)). unfold pinned at 1. simpl map. unfold occurrences at 1. simpl. lia.
  - intros i. split; [|done]. intros Hi. specialize (Hs i). unfold spawned in Hs.
    destruct (0 <? _); [destruct Hs as (? & ? & _ & ? & _)|]; congruence.
  - intros j. split; [|done]. rewrite Hv. by destruct (view fds j).
  - split; constructor.
Qed.

Lemma spawn_tables_spec sf so sg sc mem cpid w' r : spawn_tables sf so sg sc mem (tables m) w = Some (w', r) ->
  match r with
  | Ok p' => let c := mkMember p' [] [] in
      member_ok cpid c /\ moves (member_keys m ++ R) (member_keys c ++ member_keys m ++ R) w w'
      /\ (forall j, view (fd_table p') j = inherited (view fds j)) /\ (forall i, spawned (fd_table p') (ofd_table p') i)
  | Err _ => moves (member_keys m ++ R) (member_keys m ++ R) w w'
  end.
Proof.
  unfold spawn_tables. fold fds ofds.
  destruct (try_clone_inherits sf (fds_memory mem) fds (mo_wf _ _ Hm)) as ([fds'|e] & -> & Hf);
    [|intros [= <- <-]; split; [done|done|lia]]. destruct (Hf fds' eq_refl) as (Hwf & _ & Hv). clear Hf.
  destruct (try_clone so sg (table_memory mem) (clone_memory mem) ofds w) as [[w1 [t1|e]]|] eqn:Ec; [| |done];
    pose proof (try_clone_spec _ _ _ _ _ _ _ _ _ Hok Ec) as H1; cbn beta iota in H1; [|intros [= <- <-]; done].
  destruct H1 as (Hcop & Hb1 & Hm1).
  destruct (retain_fd_references_spec sc (counts_memory mem) fds' w1 t1 _ (moves_cells _ _ _ _ Hm1) Hb1) as (w2 & t2 & [[]|e] & -> & H2).
  2: { destruct H2 as [-> ->]. intros [= <- <-]. eapply moves_trans; [|exact Hm1|apply drop_slots_spec, Hm1]. done. }
  destruct H2 as (Hb2 & Hm2 & Ht2 & Hlive). intros [= <- <-]. cbn [fd_table ofd_table].
  assert (forall i, spawned fds' (reset_iterators w2 t2) i) as Hsp.
  { intros i. unfold spawned. rewrite reset_iterators_tview, Ht2. pose proof (copied_tview t1 i Hcop) as Hc.
    rewrite <- (aliases_inherited fds' (Z.of_nat i) Hwf Hv). destruct (Z.ltb_spec 0 (aliases fds' (Z.of_nat i))) as [Hpos|Hz].
    - specialize (Hlive _ Hpos). rewrite Nat2Z.id in Hlive. destruct (get t1 i) as [o1|] eqn:Eg; [|done]. apply get_tview in Eg.
      rewrite Eg in Hc |- *. destruct Hc as (o & Ho & Hk). exists o. eexists. split; [done|]. simpl.
      rewrite (proj2 (Z.ltb_lt _ _) Hpos). split; [done|]. rewrite reset_key, reset_ref_count. done.
    - destruct (tview t1 i) as [| |o1]; [done|done|]. simpl. by rewrite (proj2 (Z.ltb_ge _ _) Hz). }
  split_and!; [|split|done|done].
  - apply spawned_ok; try done. unfold reset_iterators, buf_ok, len in *. cbn [entries values capacity]. rewrite length_map. exact Hb2.
  - unfold member_keys at 1. cbn [tables ofd_table outstanding map]. rewrite app_nil_r, reset_iterators_keys. apply Hm2.
  - eapply cells_keep_trans; [apply Hm1|apply Hm2].
  - destruct Hm1, Hm2. lia.
Qed.
End Steps.

(** ** dup2 *)

(** What the number [fd0] is: some position of the table, or none. *)
Lemma not_open_if_refused t fd0 e : Fd.get t fd0 = Err e -> forall j entry, fd0 = Z.of_nat j -> view t j <> Fd.Open entry.
Proof.
  intros He j entry -> Hj. assert (Fd.get t (Z.of_nat j) = Ok entry) by (apply get_is_open; by exists j). congruence.
Qed.

Lemma get_view_ext t t' fd0 : (forall j, fd0 = Z.of_nat j -> view t' j = view t j) -> Fd.get t' fd0 = Fd.get t fd0.
Proof.
  intros H. destruct (Fd.get t fd0) as [entry|e] eqn:E.
  - apply get_is_open. apply get_is_open in E as (j & -> & Hj). exists j. split; [done|]. by rewrite H.
  - destruct (Fd.get t' fd0) as [entry|e'] eqn:E'; [|by rewrite (Fd.get_err _ _ _ E), (Fd.get_err _ _ _ E')].
    apply get_is_open in E' as (j & -> & Hj). rewrite H in Hj by done. by destruct (not_open_if_refused _ _ _ E j entry eq_refl).
Qed.

(** dup2 keeps the invariant whatever it returns. When it succeeds on two
    different numbers, the new one names the old one's description and no
    other number has changed. *)
Lemma sys_dup2_spec pid R m w size mem oldfd newfd s' r :
  member_ok pid m -> cells_ok w (member_keys m ++ R) ->
  sys_dup2 size mem oldfd newfd (w, tables m) = Some (s', r) ->
  evolves pid R m w (mkMember (snd s') (pins m) (outstanding m)) (fst s')
  /\ forall n, r = Ok n -> n = newfd /\ exists entry, Fd.get (fd_table (tables m)) oldfd = Ok entry
       /\ (oldfd = newfd /\ s' = (w, tables m) \/ oldfd <> newfd /\ exists k, newfd = Z.of_nat k
            /\ forall j, view (fd_table (snd s')) j
                 = if decide (j = k) then Fd.Open (mkFdEntry (ofd_ref entry) 0) else view (fd_table (tables m)) j).
Proof.
  intros Hm Hok. unfold sys_dup2, op_bind at 1 2, op_get, op_lift, id. cbn [fst snd].
  destruct (Fd.get (fd_table (tables m)) oldfd) as [entry|e] eqn:Eg; [|intros [= <- <-]; split; [by apply evolves_same|done]].
  destruct (Z.eqb_spec oldfd newfd) as [Heq|Hne].
  { intros [= <- <-]. split; [by apply evolves_same|]. intros n [= <-]. split; [done|]. exists entry. split; [done|by left]. }
  unfold op_bind at 1, op_match at 1.
  destruct (close_descriptor_spec pid R m w Hm Hok newfd) as ([w1 p1] & r1 & -> & Hev & Hr1). cbn [fst snd] in Hev, Hr1.
  set (m1 := mkMember p1 (pins m) (outstanding m)) in *. intros Hrun.
  assert (install_copy size mem oldfd newfd (w1, tables m1) = Some (s', r)) as Hrun' by (by destruct r1). clear Hrun.
  assert (forall j e, newfd = Z.of_nat j -> view (fd_table (tables m1)) j <> Fd.Open e) as Hclosed.
  { destruct r1 as [freed|e1].
    - destruct Hr1 as (j & i & e0 & o & o' & -> & _ & _ & _ & _ & _ & _ & Hu & _). intros j' e <-%Nat2Z.inj. simpl.
      by rewrite (upd_view _ _ _ _ Hu), decide_True.
    - destruct Hr1 as (_ & [= -> ->] & He). intros j e. by eapply not_open_if_refused. }
  assert (forall j, newfd <> Z.of_nat j -> view (fd_table p1) j = view (fd_table (tables m)) j) as Hothers.
  { intros j Hj. destruct r1 as [freed|e1].
    - destruct Hr1 as (j' & i & e0 & o & o' & -> & _ & _ & _ & _ & _ & _ & Hu & _).
      rewrite (upd_view _ _ _ _ Hu). case_decide; [by subst|done].
    - by destruct Hr1 as (_ & [= -> ->] & _). }
  destruct (install_copy_spec pid R m1 w1 (ev_member _ _ _ _ _ _ Hev) (moves_cells _ _ _ _ (ev_moves _ _ _ _ _ _ Hev))
    _ _ _ _ _ _ Hclosed Hrun') as (Hw & Hev' & Hr). rewrite Hw. split; [by eapply evolves_trans|].
  intros n ->. destruct Hr as (k & entry' & -> & -> & Hg & Hu). split; [done|]. exists entry. split; [done|]. right. split; [done|].
  exists k. split; [done|]. apply get_is_open in Eg as (jo & -> & Hjo). apply get_is_open in Hg as (jo' & <-%Nat2Z.inj & Hjo').
  unfold fds in *. cbn [tables m1] in Hjo', Hu.
  assert (entry' = entry) as ->. { rewrite Hothers in Hjo' by congruence. congruence. }
  intros j. rewrite (upd_view _ _ _ _ Hu). case_decide; [done|]. apply Hothers. lia.
Qed.
