(* ===== verification/DescThms.v ===== *)
(** * The machine's descriptors: reachable states and theorems

    The processes of a machine with their descriptor tables, the step relation
    of the operations on them, the invariant of every reachable machine and
    the properties POSIX asks of open file descriptions. *)

From S2P Require Import Prelude Lock Fd IoBuffer OfdRefs Ofd OfdInv Descriptors DescInv.

(** ** The machine *)

Record Machine : Type := mkMachine { world : World; procs : gmap Z Member }.

Definition boot : Machine := mkMachine initial_world ∅.

Definition procs_keys (ps : gmap Z Member) : list Key := concat (map (fun p => member_keys (snd p)) (map_to_list ps)).

(** The operations on the shared cell of a description. *)
Inductive CellOp : Type := SetOffset (value : Z) | SetFlags (value : Z) | SetOwner (value : Z) | Watch.

Definition apply_cell (c : CellOp) (o : OpenFileDesc) (w : World) : World :=
  match c with
  | SetOffset value => set_offset value o w
  | SetFlags value => set_status_flags_raw value o w
  | SetOwner value => set_owner_pid value o w
  | Watch => mark_epoll_watched o w
  end.

(** The machine's sizes of the structures it allocates. *)
Record Sizes : Type := mkSizes { fd_slot : Z; ofd_slot : Z; flip : Z; count_entry : Z }.

(** One operation of one process. A new description is prepared while there are
    identities left; running out of 64-bit identities panics. *)
Inductive machine_step (z : Sizes) : Machine -> Machine -> Prop :=
  | step_start pid M : procs M !! pid = None ->
      machine_step z M (mkMachine (world M) (<[pid := mkMember (mkProc Fd.new new_ofd_table) [] []]> (procs M)))
  | step_prepare pid m mem kind flags name M s r : procs M !! pid = Some m -> last_ofd_id (world M) < u64_max ->
      prepare_descriptor pid (fd_slot z) (ofd_slot z) mem kind flags name (world M, tables m) = Some (s, r) ->
      machine_step z M (mkMachine (fst s) (<[pid := mkMember (snd s) (pins m)
        (match r with Ok d => d :: outstanding m | Err _ => outstanding m end)]> (procs M)))
  | step_publish pid m l1 d l2 handle flags M s r : procs M !! pid = Some m -> outstanding m = l1 ++ d :: l2 ->
      publish_descriptor pid d handle flags (world M, tables m) = Some (s, r) ->
      machine_step z M (mkMachine (fst s) (<[pid := mkMember (snd s) (pins m) (l1 ++ l2)]> (procs M)))
  | step_cancel pid m l1 d l2 M s r : procs M !! pid = Some m -> outstanding m = l1 ++ d :: l2 ->
      cancel_descriptor pid d (world M, tables m) = Some (s, r) ->
      machine_step z M (mkMachine (fst s) (<[pid := mkMember (snd s) (pins m) (l1 ++ l2)]> (procs M)))
  | step_dup pid m mem fd0 M s r : procs M !! pid = Some m ->
      sys_dup (fd_slot z) mem fd0 (world M, tables m) = Some (s, r) ->
      machine_step z M (mkMachine (fst s) (<[pid := mkMember (snd s) (pins m) (outstanding m)]> (procs M)))
  | step_dup2 pid m mem oldfd newfd M s r : procs M !! pid = Some m ->
      sys_dup2 (fd_slot z) mem oldfd newfd (world M, tables m) = Some (s, r) ->
      machine_step z M (mkMachine (fst s) (<[pid := mkMember (snd s) (pins m) (outstanding m)]> (procs M)))
  | step_close pid m fd0 M s r : procs M !! pid = Some m ->
      close_descriptor fd0 (world M, tables m) = Some (s, r) ->
      machine_step z M (mkMachine (fst s) (<[pid := mkMember (snd s) (pins m) (outstanding m)]> (procs M)))
  | step_pin pid m i ident M s r : procs M !! pid = Some m ->
      pin_description i ident (world M, tables m) = Some (s, r) ->
      machine_step z M (mkMachine (fst s) (<[pid := mkMember (snd s)
        (match r with Ok _ => (Z.of_nat i, ident) :: pins m | Err _ => pins m end) (outstanding m)]> (procs M)))
  | step_unpin pid m l1 slot ident l2 M s r : procs M !! pid = Some m -> pins m = l1 ++ (slot, ident) :: l2 ->
      release_slot (Z.to_nat slot) (world M, tables m) = Some (s, r) ->
      machine_step z M (mkMachine (fst s) (<[pid := mkMember (snd s) (l1 ++ l2) (outstanding m)]> (procs M)))
  | step_cell pid m i o c M : procs M !! pid = Some m -> get (ofd_table (tables m)) i = Some o ->
      machine_step z M (mkMachine (apply_cell c o (world M)) (procs M))
  | step_spawn pid m child mem M w r : procs M !! pid = Some m -> procs M !! child = None ->
      spawn_tables (fd_slot z) (ofd_slot z) (flip z) (count_entry z) mem (tables m) (world M) = Some (w, r) ->
      machine_step z M (mkMachine w (match r with Ok p => <[child := mkMember p [] []]> (procs M) | Err _ => procs M end))
  | step_exit pid m M : procs M !! pid = Some m -> outstanding m = [] ->
      machine_step z M (mkMachine (drop_slots (slots_of (ofd_table (tables m))) (world M)) (delete pid (procs M))).

(** ** The invariant *)

Record machine_ok (M : Machine) : Prop := {
  members_ok : forall pid m, procs M !! pid = Some m -> member_ok pid m;
  machine_cells : cells_ok (world M) (procs_keys (procs M));
  machine_ids : ids_ok (world M) (procs_keys (procs M));
}.

Lemma procs_keys_insert ps pid m : ps !! pid = None -> procs_keys (<[pid := m]> ps) ≡ₚ member_keys m ++ procs_keys ps.
Proof. intros H. unfold procs_keys. by rewrite map_to_list_insert. Qed.

Lemma procs_keys_delete ps pid m : ps !! pid = Some m -> procs_keys ps ≡ₚ member_keys m ++ procs_keys (delete pid ps).
Proof. intros H. rewrite <- procs_keys_insert by apply lookup_delete_eq. by rewrite insert_delete_eq, insert_id. Qed.

Lemma procs_keys_update ps pid m : procs_keys (<[pid := m]> ps) ≡ₚ member_keys m ++ procs_keys (delete pid ps).
Proof. rewrite <- procs_keys_insert by apply lookup_delete_eq. by rewrite insert_delete_eq. Qed.

Lemma ids_ok_mono w w' K K' : ids_ok w K -> (forall k, In k K' -> In k K) -> last_ofd_id w <= last_ofd_id w' -> ids_ok w' K'.
Proof. intros [H0 H1 H2] Hs Hl. split; [lia| |auto]. intros k Hk. specialize (H1 k (Hs k Hk)). lia. Qed.

Lemma machine_member M pid m : machine_ok M -> procs M !! pid = Some m ->
  member_ok pid m /\ cells_ok (world M) (member_keys m ++ procs_keys (delete pid (procs M))).
Proof.
  intros [H1 H2 H3] Hp. split; [by apply H1|]. eapply cells_ok_perm; [|exact H2]. by apply procs_keys_delete.
Qed.

(** A process evolves, the others stand still. *)
Lemma evolves_machine M pid m m' w' : machine_ok M -> procs M !! pid = Some m ->
  evolves pid (procs_keys (delete pid (procs M))) m (world M) m' w' -> machine_ok (mkMachine w' (<[pid := m']> (procs M))).
Proof.
  intros [H1 H2 H3] Hp [E1 [V1 V2 V3] E3]. split; cbn [world procs].
  - intros pid' m0. rewrite lookup_insert. case_decide as E; [intros [= <-]; by subst|apply H1].
  - eapply cells_ok_perm; [symmetry; apply procs_keys_update|done].
  - eapply ids_ok_mono; [exact H3| |done]. intros k. rewrite <- !list_elem_of_In.
    rewrite procs_keys_update, (procs_keys_delete _ _ _ Hp). rewrite !list_elem_of_In. apply E3.
Qed.

Lemma start_ok M pid : machine_ok M -> procs M !! pid = None ->
  machine_ok (mkMachine (world M) (<[pid := mkMember (mkProc Fd.new new_ofd_table) [] []]> (procs M))).
Proof.
  intros [H1 H2 H3] Hp. split; cbn [world procs].
  - intros pid' m0. rewrite lookup_insert. case_decide as E; [intros [= <-]; subst|apply H1].
    split; cbn [tables pins outstanding fd_table ofd_table map]; try done.
    + intros j entry. change Fd.new with (with_max DEFAULT_MAX). by rewrite view_with_max.
    + intros j. split; [|done]. change Fd.new with (with_max DEFAULT_MAX). by rewrite view_with_max.
    + split; constructor.
  - eapply cells_ok_perm; [symmetry; by apply procs_keys_insert|done].
  - eapply ids_ok_mono; [exact H3| |lia]. intros k. rewrite <- !list_elem_of_In. by rewrite procs_keys_insert.
Qed.

Lemma cell_ok M c o : machine_ok M -> machine_ok (mkMachine (apply_cell c o (world M)) (procs M)).
Proof.
  intros [H1 H2 H3]. split; cbn [world procs]; [done| |]; destruct c; simpl; try (by apply update_cell_ok); by eapply ids_ok_mono.
Qed.

Lemma prepare_ok z M pid m mem kind flags name s r : machine_ok M -> procs M !! pid = Some m ->
  last_ofd_id (world M) < u64_max ->
  prepare_descriptor pid (fd_slot z) (ofd_slot z) mem kind flags name (world M, tables m) = Some (s, r) ->
  machine_ok (mkMachine (fst s) (<[pid := mkMember (snd s) (pins m)
        (match r with Ok d => d :: outstanding m | Err _ => outstanding m end)]> (procs M))).
Proof.
  intros HM Hp Hl Hrun. destruct (machine_member _ _ _ HM Hp) as [Hm Hok].
  destruct (prepare_descriptor_spec pid _ m (world M) Hm Hok (fd_slot z) (ofd_slot z) mem kind flags name Hl) as (s' & r' & Hrun' & H).
  rewrite Hrun in Hrun'. injection Hrun' as <- <-. destruct r as [d|e]; [|by eapply evolves_machine; [..|apply H]].
  destruct H as (Hm' & Hk & Hlast & _ & Hfresh & [V1 V2 V3] & Hin & _). pose proof HM as [H1 H2 H3].
  set (m' := mkMember (snd s) (pins m) (d :: outstanding m)) in *.
  assert (forall k, In k (procs_keys (<[pid := m']> (procs M))) -> k = key (value (ofd d)) \/ In k (procs_keys (procs M))) as Hin'.
  { intros k. rewrite <- !list_elem_of_In, procs_keys_update, (procs_keys_delete _ _ _ Hp), !list_elem_of_In. apply Hin. }
  assert (forall k, In k (procs_keys (procs M)) -> key_state k <> next_cell (world M)) as Hfresh'.
  { intros k. rewrite <- list_elem_of_In, (procs_keys_delete _ _ _ Hp), list_elem_of_In. apply Hfresh. }
  split; cbn [world procs].
  - intros pid' m0. rewrite lookup_insert. case_decide as E; [intros [= <-]; by subst|apply H1].
  - eapply cells_ok_perm; [symmetry; apply procs_keys_update|done].
  - destruct H3 as [I0 I1 I2]. split; [lia| |].
    + intros k [->|Hk']%Hin'; [rewrite Hk; simpl; lia|specialize (I1 k Hk'); lia].
    + intros a b [->|Ha]%Hin' [->|Hb]%Hin'; try done; [| |by apply I2]; rewrite Hk; simpl;
        [specialize (I1 b Hb); specialize (Hfresh' b Hb)|specialize (I1 a Ha); specialize (Hfresh' a Ha)]; split; lia || done.
Qed.

Lemma spawn_ok z M pid m child mem w r : machine_ok M -> procs M !! pid = Some m -> procs M !! child = None ->
  spawn_tables (fd_slot z) (ofd_slot z) (flip z) (count_entry z) mem (tables m) (world M) = Some (w, r) ->
  machine_ok (mkMachine w (match r with Ok p => <[child := mkMember p [] []]> (procs M) | Err _ => procs M end)).
Proof.
  intros HM Hp Hc Hrun. destruct (machine_member _ _ _ HM Hp) as [Hm Hok].
  pose proof (spawn_tables_spec pid _ m (world M) Hm Hok _ _ _ _ _ child _ _ Hrun) as H. pose proof HM as [H1 H2 H3].
  destruct r as [p|e]; cbn beta iota in H.
  - destruct H as (Hm' & [V1 V2 V3] & Hv & Hsp).
    assert (forall k, In k (member_keys (mkMember p [] [])) -> In k (member_keys m)) as Hsub.
    { unfold member_keys. cbn [tables outstanding map]. rewrite app_nil_r. intros k Hk. apply in_app_iff. left.
      apply list_elem_of_In, list_elem_of_omap in Hk as (s & Hs & Hsk). apply list_elem_of_lookup in Hs as (i & Hi).
      destruct s as [| |o']; try done. injection Hsk as <-.
      assert (tview (ofd_table p) i = Open o') as Ht by (unfold tview; by rewrite Hi).
      specialize (Hsp i). unfold spawned in Hsp. destruct (0 <? _); [|congruence].
      destruct Hsp as (o & o1 & Ho & Ho1 & Hk & _). rewrite Ht in Ho1. injection Ho1 as <-. rewrite Hk.
      apply list_elem_of_In, list_elem_of_omap. exists (Open o). split; [|done].
      apply lookup_tview in Ho. by eapply list_elem_of_lookup_2. }
    split; cbn [world procs].
    + intros pid' m0. rewrite lookup_insert. case_decide as E; [intros [= <-]; by subst|apply H1].
    + eapply cells_ok_perm; [|exact V1]. rewrite procs_keys_insert by done. by rewrite (procs_keys_delete _ _ _ Hp).
    + eapply ids_ok_mono; [exact H3| |done]. intros k. rewrite <- list_elem_of_In, procs_keys_insert, list_elem_of_In by done.
      intros [Hk|Hk]%in_app_iff; [|done]. rewrite <- list_elem_of_In, (procs_keys_delete _ _ _ Hp), list_elem_of_In.
      apply in_app_iff. left. by apply Hsub.
  - destruct H as [V1 V2 V3]. split; cbn [world procs]; [done| |by eapply ids_ok_mono].
    eapply cells_ok_perm; [|exact V1]. symmetry. by apply procs_keys_delete.
Qed.

Lemma exit_ok M pid m : machine_ok M -> procs M !! pid = Some m -> outstanding m = [] ->
  machine_ok (mkMachine (drop_slots (slots_of (ofd_table (tables m))) (world M)) (delete pid (procs M))).
Proof.
  intros HM Hp Hout. destruct (machine_member _ _ _ HM Hp) as [Hm Hok]. pose proof HM as [H1 H2 H3].
  unfold member_keys in Hok. rewrite Hout, app_nil_r in Hok.
  destruct (drop_slots_spec _ _ _ Hok) as [V1 V2 V3]. split; cbn [world procs].
  - intros pid' m0 [_ Hl]%lookup_delete_Some. by apply H1.
  - done.
  - eapply ids_ok_mono; [exact H3| |done]. intros k Hk.
    rewrite <- list_elem_of_In, (procs_keys_delete _ _ _ Hp), list_elem_of_In. apply in_app_iff. by right.
Qed.

Lemma machine_step_ok z M M' : machine_step z M M' -> machine_ok M -> machine_ok M'.
Proof.
  intros H HM. destruct H as [pid M Hp|pid m mem kind flags name M s r Hp Hl Hrun|pid m l1 d l2 handle flags M s r Hp Ho Hrun
    |pid m l1 d l2 M s r Hp Ho Hrun|pid m mem fd0 M s r Hp Hrun|pid m mem oldfd newfd M s r Hp Hrun|pid m fd0 M s r Hp Hrun|pid m i ident M s r Hp Hrun
    |pid m l1 slot ident l2 M s r Hp Ho Hrun|pid m i o c M Hp Hg|pid m child mem M w r Hp Hc Hrun|pid m M Hp Ho];
    try (destruct (machine_member _ _ _ HM Hp) as [Hm Hok]).
  - by apply start_ok.
  - by eapply prepare_ok.
  - destruct (publish_descriptor_spec pid _ m (world M) Hm Hok l1 d l2 handle flags Ho) as (p' & E & Hev & _).
    rewrite Hrun in E. injection E as -> ->. by eapply evolves_machine.
  - destruct (cancel_descriptor_spec pid _ m (world M) Hm Hok l1 d l2 Ho) as (p' & E & Hev & _).
    rewrite Hrun in E. injection E as -> ->. by eapply evolves_machine.
  - destruct (sys_dup_spec pid _ m (world M) Hm Hok _ _ _ _ _ Hrun) as (E & Hev & _). rewrite E. by eapply evolves_machine.
  - destruct (sys_dup2_spec pid _ m (world M) _ _ _ _ _ _ Hm Hok Hrun) as [Hev _]. by eapply evolves_machine.
  - destruct (close_descriptor_spec pid _ m (world M) Hm Hok fd0) as (s' & r' & E & Hev & _).
    rewrite Hrun in E. injection E as -> ->. by eapply evolves_machine.
  - destruct (pin_description_spec pid _ m (world M) Hm Hok i ident) as (s' & r' & E & Hev & Hw & _).
    rewrite Hrun in E. injection E as -> ->. rewrite Hw. by eapply evolves_machine.
  - destruct (description_unpin_spec pid _ m (world M) Hm Hok l1 slot ident l2 Ho) as (i & o & o' & s' & _ & _ & _ & _ & E & _ & _ & Hev).
    rewrite Hrun in E. injection E as -> ->. by eapply evolves_machine.
  - by apply cell_ok.
  - by eapply spawn_ok.
  - by apply exit_ok.
Qed.

Lemma reachable_machine_ok z M : rtc (machine_step z) boot M -> machine_ok M.
Proof.
  intros H. assert (machine_ok boot) as H0.
  { split; cbn [boot world procs]; [done| |]; [split|split]; simpl; try done; intros l [[? ?]|[? ?]]; done. }
  revert H0. induction H; eauto using machine_step_ok.
Qed.

(** ** Theorems *)

(** The description a descriptor of a process names. *)
Definition description (M : Machine) (pid fd0 : Z) : option OpenFileDesc :=
  match procs M !! pid with
  | None => None
  | Some m =>
      match Fd.get (fd_table (tables m)) fd0 with
      | Ok entry => get (ofd_table (tables m)) (Z.to_nat (ofd_ref entry))
      | Err _ => None
      end
  end.

(** The pointers that live descriptions hold, in tables and in preparation. *)
Definition live_pointers (M : Machine) : list Z := state_ptrs (procs_keys (procs M)).

Lemma slot_key_live M pid m i o : procs M !! pid = Some m -> tview (ofd_table (tables m)) i = Open o ->
  In (key o) (procs_keys (procs M)).
Proof.
  intros Hp Ho. rewrite <- list_elem_of_In, (procs_keys_delete _ _ _ Hp), list_elem_of_In. apply in_app_iff. left.
  unfold member_keys. apply in_app_iff. left. apply list_elem_of_In, list_elem_of_omap. exists (Open o). split; [|done].
  by eapply list_elem_of_lookup_2, lookup_tview.
Qed.

Lemma description_Some M pid fd0 o : machine_ok M -> description M pid fd0 = Some o ->
  exists m j entry i, procs M !! pid = Some m /\ fd0 = Z.of_nat j /\ view (fd_table (tables m)) j = Fd.Open entry
    /\ ofd_ref entry = Z.of_nat i /\ tview (ofd_table (tables m)) i = Open o /\ In (key o) (procs_keys (procs M)).
Proof.
  intros HM. unfold description. destruct (procs M !! pid) as [m|] eqn:Hp; [|done].
  destruct (Fd.get _ fd0) as [entry|] eqn:Eg; [|done]. apply get_is_open in Eg as (j & -> & Hj). intros Ho.
  destruct (mo_named _ _ (members_ok _ HM _ _ Hp) j entry Hj) as (i & o' & Hi & Ho'). rewrite Hi, Nat2Z.id in Ho. apply get_tview in Ho.
  exists m, j, entry, i. split_and!; [done..|]. by eapply slot_key_live.
Qed.

(** C5. Counts are exact in every reachable machine, however opens in progress,
    dups, closes, pins, spawns and exits of its processes interleave: an open
    descriptor names an open description; a description counts the descriptors
    and the pins of its process that refer to it, at least one; a pinned
    description is still there under its identity; a shared cell has as many
    pointers as there are live descriptions on it and exists exactly while
    there is one. *)
Theorem descriptors_exact z M : rtc (machine_step z) boot M ->
  (forall pid m fd0 entry, procs M !! pid = Some m -> Fd.get (fd_table (tables m)) fd0 = Ok entry ->
     exists o, get (ofd_table (tables m)) (Z.to_nat (ofd_ref entry)) = Some o)
  /\ (forall pid m i o, procs M !! pid = Some m -> get (ofd_table (tables m)) i = Some o ->
     ref_count o = aliases (fd_table (tables m)) (Z.of_nat i) + pinned (pins m) (Z.of_nat i) /\ 1 <= ref_count o)
  /\ (forall pid m slot ident, procs M !! pid = Some m -> In (slot, ident) (pins m) ->
     exists o, get (ofd_table (tables m)) (Z.to_nat slot) = Some o /\ ofd_id o = ident)
  /\ (forall l, match states (world M) !! l with
     | Some rc => strong rc = occurrences l (live_pointers M) /\ 1 <= strong rc
     | None => ~ In l (live_pointers M)
     end).
Proof.
  intros HM%reachable_machine_ok. pose proof HM as [H1 H2 H3]. split_and!.
  - intros pid m fd0 entry Hp (j & _ & Hj)%get_is_open. destruct (mo_named _ _ (H1 _ _ Hp) j entry Hj) as (i & o & -> & Ho).
    exists o. rewrite Nat2Z.id. by apply get_tview.
  - intros pid m i o Hp Ho%get_tview. destruct (mo_counts _ _ (H1 _ _ Hp) i o Ho) as [? ?]. split; [done|lia].
  - intros pid m slot ident Hp Hin. destruct (mo_pins _ _ (H1 _ _ Hp) slot ident Hin) as (i & o & -> & Ho & Hid).
    exists o. rewrite Nat2Z.id. split; [by apply get_tview|done].
  - intros l. pose proof (states_exact _ _ H2 l) as Hl. destruct (states (world M) !! l); [done|]. by apply occurrences_zero.
Qed.

Lemma apply_cell_other c a b w : shared_state a <> shared_state b -> inner (apply_cell c a w) b = inner w b.
Proof. intros H. by destruct c; simpl; unfold set_offset, set_status_flags_raw, set_owner_pid, mark_epoll_watched; rewrite update_cell_inner, decide_False. Qed.

(** C6. One open file description has one position, one set of flags and one owner.
    What is set through a descriptor is read through every descriptor, of any
    process, of a description with the same identity, and no operation on a
    description is seen through a description with another identity. *)
Theorem one_open_file_description z M p1 f1 a p2 f2 b value : rtc (machine_step z) boot M ->
  description M p1 f1 = Some a -> description M p2 f2 = Some b ->
  (ofd_id a = ofd_id b ->
     offset (set_offset value a (world M)) b = value
     /\ status_flags (set_status_flags_raw value a (world M)) b = value
     /\ owner_pid (set_owner_pid value a (world M)) b = value)
  /\ (ofd_id a <> ofd_id b -> forall c, inner (apply_cell c a (world M)) b = inner (world M) b).
Proof.
  intros HM%reachable_machine_ok Ha Hb.
  apply (description_Some _ _ _ _ HM) in Ha as (_ & _ & _ & _ & _ & _ & _ & _ & _ & Ha).
  apply (description_Some _ _ _ _ HM) in Hb as (_ & _ & _ & _ & _ & _ & _ & _ & _ & Hb).
  destruct (live_inner _ _ b (machine_cells _ HM) Hb) as [c Hc].
  pose proof (ids_agree _ _ (machine_ids _ HM) _ _ Ha Hb) as Hag. simpl in Hag. split.
  - intros Hid%Hag. unfold offset, status_flags, owner_pid, set_offset, set_status_flags_raw, set_owner_pid.
    rewrite !update_cell_inner, !decide_True, Hc by done. done.
  - intros Hid c0. apply apply_cell_other. by rewrite <- Hag.
Qed.

Lemma description_updated M pid m p w ps fds' j entry i o : procs M !! pid = Some m ->
  fd_table p = fds' -> updated (fd_table (tables m)) fds' j (Fd.Open entry) -> ofd_ref entry = Z.of_nat i ->
  get (ofd_table p) i = Some o -> ps !! pid = Some (mkMember p (pins m) (outstanding m)) ->
  description (mkMachine w ps) pid (Z.of_nat j) = Some o.
Proof.
  intros Hp <- Hu Hi Ho Hps. unfold description. cbn [procs]. rewrite Hps. cbn [tables].
  rewrite (proj2 (get_is_open (fd_table p) (Z.of_nat j) entry)); [by rewrite Hi, Nat2Z.id|].
  exists j. split; [done|]. by rewrite (upd_view _ _ _ _ Hu), decide_True.
Qed.

(** C7. Where identities come from. A dup shares the description of the descriptor
    it copies, a spawned child shares the description of every descriptor of
    its parent under the same number, and the description of an open in any
    process is none of the live ones. *)
Theorem dup_and_spawn_share_open_does_not z M pid m fd0 a : rtc (machine_step z) boot M ->
  procs M !! pid = Some m -> description M pid fd0 = Some a ->
  (forall mem s new_fd, sys_dup (fd_slot z) mem fd0 (world M, tables m) = Some (s, Ok new_fd) ->
     exists b, description (mkMachine (fst s) (<[pid := mkMember (snd s) (pins m) (outstanding m)]> (procs M))) pid new_fd = Some b
       /\ ofd_id b = ofd_id a /\ shared_state b = shared_state a)
  /\ (forall mem child p w, procs M !! child = None ->
     spawn_tables (fd_slot z) (ofd_slot z) (flip z) (count_entry z) mem (tables m) (world M) = Some (w, Ok p) ->
     exists b, description (mkMachine w (<[child := mkMember p [] []]> (procs M))) child fd0 = Some b
       /\ ofd_id b = ofd_id a /\ shared_state b = shared_state a
       /\ inner w b = inner (world M) a)
  /\ (forall opener m2 mem kind flags name s d, procs M !! opener = Some m2 -> last_ofd_id (world M) < u64_max ->
     prepare_descriptor opener (fd_slot z) (ofd_slot z) mem kind flags name (world M, tables m2) = Some (s, Ok d) ->
     ofd_id (value (ofd d)) <> ofd_id a /\ shared_state (value (ofd d)) <> shared_state a
     /\ inner (fst s) a = inner (world M) a).
Proof.
  intros HM%reachable_machine_ok Hp Ha.
  apply (description_Some _ _ _ _ HM) in Ha as (m' & j & entry & i & Hp' & -> & Hj & Hi & Ho & Hlive).
  rewrite Hp in Hp'. injection Hp' as <-. destruct (machine_member _ _ _ HM Hp) as [Hm Hok].
  assert (Fd.get (fd_table (tables m)) (Z.of_nat j) = Ok entry) as Hget by (apply get_is_open; by exists j).
  split_and!.
  - intros mem s new_fd Hrun. destruct (sys_dup_spec pid _ m (world M) Hm Hok _ _ _ _ _ Hrun) as (_ & _ & n & e & _ & -> & Hg & Hu & k & o & Hk & Ho' & Ht).
    unfold fds in Hg. rewrite Hget in Hg. injection Hg as <-. rewrite Hi in Hk. apply Nat2Z.inj in Hk as <-.
    unfold ofds in Ho'. rewrite Ho in Ho'. injection Ho' as <-. exists (with_ref_count a (ref_count a + 1)). split; [|done].
    eapply description_updated; [exact Hp|done|exact Hu|exact Hi| |apply lookup_insert_eq]. apply get_tview. by eapply tview_same.
  - intros mem child p w Hc Hrun. pose proof (spawn_tables_spec pid _ m (world M) Hm Hok _ _ _ _ _ child _ _ Hrun) as (_ & Hmv & Hv & Hsp).
    specialize (Hsp i). unfold spawned in Hsp. rewrite (proj2 (Z.ltb_lt _ _)) in Hsp by (apply aliases_pos; [apply Hm|]; by exists j, entry).
    destruct Hsp as (o & b & Ho' & Hb & Hk & _). unfold ofds in Ho'. rewrite Ho in Ho'. injection Ho' as <-. injection Hk as K1 K2 _.
    exists b. split_and!; [|done|done|].
    + unfold description. cbn [procs]. rewrite lookup_insert_eq. cbn [tables].
      rewrite (proj2 (get_is_open (fd_table p) (Z.of_nat j) entry)); [rewrite Hi, Nat2Z.id; by apply get_tview|].
      exists j. split; [done|]. rewrite Hv. unfold fds. by rewrite Hj.
    + rewrite !inner_cell, K2. apply (proj1 (moves_keeps _ _ _ _ Hmv) (key a)).
      rewrite <- list_elem_of_In, <- (procs_keys_delete _ _ _ Hp), list_elem_of_In. done.
  - intros opener m2 mem kind flags name s d Hp2 Hl Hrun. destruct (machine_member _ _ _ HM Hp2) as [Hm2 Hok2].
    destruct (prepare_descriptor_spec opener _ m2 (world M) Hm2 Hok2 (fd_slot z) (ofd_slot z) mem kind flags name Hl) as (s' & r' & Hrun' & H).
    rewrite Hrun in Hrun'. injection Hrun' as <- <-. destruct H as (_ & Hk & _ & _ & Hfresh & Hmv & _). injection Hk as K1 K2 _.
    pose proof (ids_range _ _ (machine_ids _ HM) _ Hlive) as Hr. simpl in Hr.
    rewrite <- list_elem_of_In, (procs_keys_delete _ _ _ Hp2), list_elem_of_In in Hlive.
    rewrite K1, K2. split_and!; [lia|by apply not_eq_sym, (Hfresh (key a))|].
    rewrite !inner_cell. by apply (proj1 (moves_keeps _ _ _ _ Hmv) (key a)).
Qed.

(** dup2 makes the new number name what the old number names, and changes no
    other number of the process; on one and the same open number it does
    nothing. *)
Theorem dup2_redirects z M pid m mem oldfd newfd s n : rtc (machine_step z) boot M -> procs M !! pid = Some m ->
  sys_dup2 (fd_slot z) mem oldfd newfd (world M, tables m) = Some (s, Ok n) ->
  let M' := mkMachine (fst s) (<[pid := mkMember (snd s) (pins m) (outstanding m)]> (procs M)) in
  n = newfd /\ is_Some (description M' pid newfd) /\ description M' pid newfd = description M' pid oldfd
  /\ (forall fd0, fd0 <> newfd -> Fd.get (fd_table (snd s)) fd0 = Fd.get (fd_table (tables m)) fd0)
  /\ (oldfd = newfd -> s = (world M, tables m)).
Proof.
  intros Hr Hp Hrun M'. assert (machine_ok M') as HM'.
  { apply (reachable_machine_ok z). eapply rtc_r; [exact Hr|]. by eapply step_dup2. }
  apply reachable_machine_ok in Hr as HM. destruct (machine_member _ _ _ HM Hp) as [Hm Hok].
  destruct (sys_dup2_spec pid _ m (world M) _ _ _ _ _ _ Hm Hok Hrun) as [_ H]. destruct (H n eq_refl) as (-> & entry & Hg & Hcase).
  assert (forall fd0 e, Fd.get (fd_table (snd s)) fd0 = Ok e -> is_Some (description M' pid fd0)) as Hopen.
  { intros fd0 e He. unfold description, M'. cbn [procs]. rewrite lookup_insert_eq. cbn [tables]. rewrite He.
    apply get_is_open in He as (j & _ & Hj).
    destruct (mo_named _ _ (members_ok _ HM' pid (mkMember (snd s) (pins m) (outstanding m)) (lookup_insert_eq _ _ _)) j e Hj) as (i & o & -> & Ho).
    rewrite Nat2Z.id. exists o. by apply get_tview. }
  destruct Hcase as [[-> ->]|(Hne & k & -> & Hv)]; [by split_and!; [done|by eapply Hopen|..]|].
  assert (forall fd0, fd0 <> Z.of_nat k -> Fd.get (fd_table (snd s)) fd0 = Fd.get (fd_table (tables m)) fd0) as Hother.
  { intros fd0 Hk. apply get_view_ext. intros j ->. rewrite Hv, decide_False; [done|]. by intros ->. }
  assert (Fd.get (fd_table (snd s)) (Z.of_nat k) = Ok (mkFdEntry (ofd_ref entry) 0)) as Hnew.
  { apply get_is_open. exists k. by rewrite Hv, decide_True. }
  split_and!; [done|by eapply Hopen| |done|done].
  unfold description, M'. cbn [procs]. rewrite lookup_insert_eq. cbn [tables]. by rewrite Hnew, Hother, Hg.
Qed.

Lemma occurrences_middle l K k rest : K ≡ₚ k :: rest ->
  occurrences l (state_ptrs rest) = occurrences l (state_ptrs K) - if l =? key_state k then 1 else 0.
Proof.
  intros HP. unfold state_ptrs. rewrite (occurrences_perm l (map key_state K) (map key_state (k :: rest)))
    by (by apply Permutation_map). simpl. rewrite occurrences_cons. lia.
Qed.

(** The last close retires the open file description, and only that one does.
    A close never panics; it fails with EBADF exactly on a number that is not
    open. It frees the description when it held the last reference of its
    process, and epoll is told to forget the description exactly when on top of
    that no other live description of the machine shares the cell; until then
    every other descriptor sees the cell as it was. *)
Theorem last_close_retires z M pid m fd0 : rtc (machine_step z) boot M -> procs M !! pid = Some m ->
  exists s r, close_descriptor fd0 (world M, tables m) = Some (s, r)
  /\ match r with
     | Ok freed => exists o, description M pid fd0 = Some o /\ freed = bool_decide (ref_count o = 1)
         /\ epoll_calls (fst s) = epoll_calls (world M)
              ++ (if freed && (occurrences (shared_state o) (live_pointers M) =? 1)
                  then from_option retire [] (inner (world M) o) else [])
         /\ (forall b, In (key b) (procs_keys (<[pid := mkMember (snd s) (pins m) (outstanding m)]> (procs M))) ->
              inner (fst s) b = inner (world M) b)
     | Err e => e = EBADF /\ description M pid fd0 = None /\ s = (world M, tables m)
     end.
Proof.
  intros HM%reachable_machine_ok Hp. destruct (machine_member _ _ _ HM Hp) as [Hm Hok].
  destruct (close_descriptor_spec pid _ m (world M) Hm Hok fd0) as (s & r & Hrun & Hev & H). exists s, r. split; [done|].
  unfold description. rewrite Hp. destruct r as [freed|e].
  - destruct H as (j & i & entry & o & o' & -> & Hj & Hi & Ho & -> & Hk & Hw & _).
    rewrite (proj2 (get_is_open (fd_table (tables m)) (Z.of_nat j) entry)) by (by exists j).
    exists o. rewrite Hi, Nat2Z.id. split_and!; [by apply get_tview|done| |].
    + rewrite Hw. destruct (mo_counts _ _ Hm i o Ho) as [_ Hr]. destruct (Z.ltb_spec 0 (ref_count o - 1)) as [Hlt|Hge].
      * rewrite bool_decide_eq_false_2 by lia. by rewrite app_nil_r.
      * rewrite bool_decide_eq_true_2 by lia. simpl andb.
        pose proof (slot_key_live _ _ _ _ _ Hp Ho) as Hlive. apply in_split in Hlive as (k1 & k2 & E).
        assert (procs_keys (procs M) ≡ₚ key o' :: k1 ++ k2) as HP by (rewrite E, Hk; symmetry; apply Permutation_middle).
        destruct (drop_ofd_spec o' (world M) _ (cells_ok_perm _ _ _ HP (machine_cells _ HM))) as [_ ->]. injection Hk as _ K2 _.
        rewrite (occurrences_middle _ _ _ _ HP). cbn [key key_state]. rewrite Z.eqb_refl, K2. unfold live_pointers, inner. rewrite K2. f_equal.
        destruct (Z.eqb_spec (occurrences (shared_state o) (state_ptrs (procs_keys (procs M)))) 1) as [->|Hne]; [done|].
        assert (0 < occurrences (shared_state o) (state_ptrs (procs_keys (procs M)))) as Hpos.
        { apply occurrences_pos. rewrite <- K2. apply (in_map key_state _ (key o')). rewrite <- list_elem_of_In, HP. by left. }
        rewrite (proj2 (Z.ltb_lt _ _)) by lia. done.
    + intros b Hb. rewrite !inner_cell. apply (proj1 (moves_keeps _ _ _ _ (ev_moves _ _ _ _ _ _ Hev)) (key b)).
      rewrite <- list_elem_of_In, procs_keys_update, list_elem_of_In in Hb. done.
  - destruct H as (-> & -> & Hg). unfold fds in Hg. by rewrite Hg.
Qed.

(** ** A machine with a shared description *)

Definition witness_sizes : Sizes := mkSizes 12 200 16 16.
Definition witness_open : OpenMemory := mkOpenMemory witness_mem true true witness_mem.

(** The state a method ends in. *)
Definition after {A} (s : ProcState) (m : op ProcState A) : ProcState :=
  match m s with Some (s', _) => s' | None => s end.
Definition answer {A} (s : ProcState) (m : op ProcState A) (default : A) : A :=
  match m s with Some (_, Ok a) => a | _ => default end.

(** Process 1 opens the file [/a] as descriptor 0 and duplicates it. *)
Definition witness_start : ProcState := (initial_world, mkProc Fd.new new_ofd_table).
Definition witness_prepare : op ProcState PreparedDescriptor :=
  prepare_descriptor 1 12 200 witness_open Regular 2 [47; 97].
Definition witness_descriptor : PreparedDescriptor :=
  answer witness_start witness_prepare (mkPreparedDescriptor 0 0
    (mkPrepared 0 (mkOfd 0 None Regular 0 0 0 Empty 0 0 0 0 None None None))).
Definition witness_prepared : ProcState := after witness_start witness_prepare.
Definition witness_published : ProcState := after witness_prepared (publish_descriptor 1 witness_descriptor 5 0).
Definition witness_dupped : ProcState := after witness_published (sys_dup 12 witness_mem 0).
Definition witness_member1 : Member := mkMember (snd witness_start) [] [].
Definition witness_member2 : Member := mkMember (snd witness_prepared) [] [witness_descriptor].
Definition witness_member3 : Member := mkMember (snd witness_published) [] [].
Definition witness_member : Member := mkMember (snd witness_dupped) [] [].
Definition witness_machine1 : Machine := mkMachine initial_world (<[1 := witness_member1]> ∅).
Definition witness_machine2 : Machine := mkMachine (fst witness_prepared) (<[1 := witness_member2]> (procs witness_machine1)).
Definition witness_machine3 : Machine := mkMachine (fst witness_published) (<[1 := witness_member3]> (procs witness_machine2)).
Definition witness_machine : Machine := mkMachine (fst witness_dupped) (<[1 := witness_member]> (procs witness_machine3)).

Lemma witness_prepare_step : machine_step witness_sizes witness_machine1 witness_machine2.
Proof.
  refine (step_prepare witness_sizes 1 witness_member1 witness_open Regular 2 [47; 97] witness_machine1 witness_prepared
    (Ok witness_descriptor) _ _ _); [apply lookup_insert_eq|vm_compute; reflexivity|vm_compute; reflexivity].
Qed.

Lemma witness_publish_step : machine_step witness_sizes witness_machine2 witness_machine3.
Proof.
  refine (step_publish witness_sizes 1 witness_member2 [] witness_descriptor [] 5 0 witness_machine2 witness_published (Ok 0) _ _ _);
    [apply lookup_insert_eq|reflexivity|vm_compute; reflexivity].
Qed.

Lemma witness_dup_step : machine_step witness_sizes witness_machine3 witness_machine.
Proof.
  refine (step_dup witness_sizes 1 witness_member3 witness_mem 0 witness_machine3 witness_dupped (Ok 1) _ _);
    [apply lookup_insert_eq|vm_compute; reflexivity].
Qed.

Lemma witness_machine_reachable : rtc (machine_step witness_sizes) boot witness_machine.
Proof.
  apply (rtc_l _ _ witness_machine1); [exact (step_start witness_sizes 1 boot eq_refl)|].
  apply (rtc_l _ _ _ _ witness_prepare_step), (rtc_l _ _ _ _ witness_publish_step), rtc_once, witness_dup_step.
Qed.

Lemma descriptors_exact_witness :
  exists o, get (ofd_table (snd witness_dupped)) 0 = Some o /\ ref_count o = 2.
Proof.
  destruct (descriptors_exact witness_sizes witness_machine witness_machine_reachable) as (H1 & H2 & _ & _).
  assert (procs witness_machine !! 1 = Some witness_member) as Hp by apply lookup_insert_eq.
  destruct (H1 1 witness_member 1 (mkFdEntry 0 0) Hp) as [o Ho]; [vm_compute; reflexivity|].
  exists o. split; [exact Ho|]. destruct (H2 1 witness_member 0%nat o Hp Ho) as [Hc _]. rewrite Hc. vm_compute. reflexivity.
Defined.

Lemma dup2_redirects_witness : exists s, sys_dup2 12 witness_mem 0 7 (world witness_machine, tables witness_member) = Some (s, Ok 7)
  /\ Fd.get (fd_table (snd s)) 1 = Ok (mkFdEntry 0 0).
Proof.
  destruct (sys_dup2 12 witness_mem 0 7 (world witness_machine, tables witness_member)) as [[s r]|] eqn:E; [|vm_compute in E; discriminate].
  assert (r = Ok 7) as -> by (vm_compute in E; congruence). exists s. split; [reflexivity|].
  destruct (dup2_redirects witness_sizes witness_machine 1 witness_member witness_mem 0 7 s 7 witness_machine_reachable
    (lookup_insert_eq _ _ _) E) as (_ & _ & _ & H & _). rewrite H by discriminate. vm_compute. reflexivity.
Defined.

(** A dup2 that fails has already closed the new number: with descriptor 40
    the only one outside the inline table, closing it gives the table's memory
    back, and when that memory cannot be had again the call returns ENOMEM
    with the number closed. *)
Example failed_dup2_closes_newfd :
  let s := after witness_dupped (sys_dup2 12 witness_mem 0 40) in
  Fd.get (fd_table (snd s)) 40 = Ok (mkFdEntry 0 0)
  /\ exists s', sys_dup2 12 (mkMemory (fun _ => false) Some (fun _ => true)) 0 40 s = Some (s', Err ENOMEM) /\ Fd.get (fd_table (snd s')) 40 = Err EBADF.
Proof. split; [vm_compute; reflexivity|]. eexists. split; vm_compute; reflexivity. Qed.

(** The description both descriptors of the witness name. *)
Definition witness_ofd : OpenFileDesc :=
  mkOfd 1 None Regular 0 5 2 (Owned [47; 97]) (-1) 0 0 0 None None None.

Lemma one_open_file_description_witness :
  description witness_machine 1 0 = Some witness_ofd /\ offset (set_offset 9 witness_ofd (world witness_machine)) witness_ofd = 9.
Proof.
  split; [vm_compute; reflexivity|].
  refine (proj1 (proj1 (one_open_file_description witness_sizes witness_machine 1 0 witness_ofd 1 1 witness_ofd 9
    witness_machine_reachable _ _) eq_refl)); vm_compute; reflexivity.
Defined.

Lemma dup_and_spawn_share_open_does_not_witness :
  exists s new_fd b, sys_dup 12 witness_mem 0 (world witness_machine, tables witness_member) = Some (s, Ok new_fd)
    /\ description (mkMachine (fst s) (<[1 := mkMember (snd s) [] []]> (procs witness_machine))) 1 new_fd = Some b
    /\ ofd_id b = 1.
Proof.
  destruct (sys_dup 12 witness_mem 0 (world witness_machine, tables witness_member)) as [[s [new_fd|e]]|] eqn:E;
    [|vm_compute in E; discriminate|vm_compute in E; discriminate].
  destruct (dup_and_spawn_share_open_does_not witness_sizes witness_machine 1 witness_member 0 witness_ofd
    witness_machine_reachable (lookup_insert_eq _ _ _)) as [H _]; [vm_compute; reflexivity|].
  destruct (H witness_mem s new_fd E) as (b & Hb & Hid & _). exists s, new_fd, b. split; [reflexivity|]. split; [exact Hb|exact Hid].
Defined.

Lemma last_close_retires_witness :
  exists s, close_descriptor 0 (world witness_machine, tables witness_member) = Some (s, Ok false).
Proof.
  destruct (last_close_retires witness_sizes witness_machine 1 witness_member 0 witness_machine_reachable (lookup_insert_eq _ _ _))
    as (s & r & Hrun & H).
  exists s. rewrite Hrun. destruct r as [freed|e]; [|vm_compute in Hrun; discriminate].
  destruct H as (o & Ho & -> & _). assert (Some witness_ofd = Some o) as E by (rewrite <- Ho; vm_compute; reflexivity).
  injection E as <-. reflexivity.
Defined.

(** ** Fork *)

(** Fork shares positions. The bytes of a fork carry identities and numbers,
    so the child's descriptions start on cells of their own; once relinking
    succeeds, every description of the child is on the cell of the parent's
    description in the same slot, with the same identity, sees what the parent
    saw, and what the child sets the parent reads. Nobody else's cell changes,
    and the cells the child started with are gone. *)
Theorem fork_shares_positions source child w w' child' K :
  cells_ok w (slot_keys (slots_of child) ++ K) -> (forall i s, get source i = Some s -> In (key s) K) ->
  link_shared_states_from source (w, child) = Some ((w', child'), Ok tt) ->
  cells_ok w' (slot_keys (slots_of child') ++ K)
  /\ forall i o, get child' i = Some o -> exists s, get source i = Some s /\ ofd_id o = ofd_id s
       /\ inner w' o = inner w s /\ forall value, offset (set_offset value o w') s = value.
Proof.
  intros Hok HK. unfold link_shared_states_from. cbn [fst snd].
  destruct (link_slots source 0 (slots_of child) w) as [[[w1 l] r]|] eqn:E; [|done]. intros [= -> <- ->].
  destruct (link_slots_spec _ _ _ _ _ _ _ _ Hok E) as (_ & Hmv & Hl). cbn [slots_of entries values].
  split; [apply Hmv|]. intros i o Ho. unfold get, slots_of in Ho. cbn [entries values] in Ho.
  destruct (l !! i) as [[| |o']|] eqn:El; try done. injection Ho as ->.
  destruct (Hl eq_refl i o El) as (s & Hs & Hid & Hst). simpl in Hs. exists s. split_and!; [done|done| |].
  - rewrite !inner_cell, Hst. apply (proj1 (moves_keeps _ _ _ _ Hmv) (key s)). by eapply HK.
  - intros value. unfold offset, set_offset. rewrite update_cell_inner, decide_True by done.
    destruct (live_inner w' (slot_keys l ++ K) s (moves_cells _ _ _ _ Hmv)) as [c Hc]; [apply in_app_iff; right; by eapply HK|].
    by rewrite Hc.
Qed.

(** A parent with one description at position 8 and the child rebuilt from its bytes. *)
Definition witness_cells : World :=
  match (do! _ <- try_new_state true 2 8 0; try_new_state true 2 8 0) initial_world with Some (w, _) => w | None => initial_world end.
Definition witness_parent : OfdTable := mkOfdTable (mkIoBuffer [Open (mkOfd 7 None Regular 0 5 1 Root (-1) 0 0 0 None None None)] 4).
Definition witness_child : OfdTable := mkOfdTable (mkIoBuffer [Open (mkOfd 7 None Regular 1 5 1 Root (-1) 0 0 0 None None None)] 4).

Lemma witness_cells_ok : cells_ok witness_cells (slot_keys (slots_of witness_child) ++ slot_keys (slots_of witness_parent)).
Proof.
  assert (cells_ok initial_world []) as H0 by (split; simpl; try done; intros l [[? ?]|[? ?]]; done).
  destruct (try_new_state_spec true 2 8 0 initial_world _ _ [] H0 eq_refl) as (_ & H1 & _).
  destruct (try_new_state_spec true 2 8 0 _ _ _ _ (moves_cells _ _ _ _ (H1 7)) eq_refl) as (_ & H2 & _).
  exact (moves_cells _ _ _ _ (H2 7)).
Qed.

Lemma fork_shares_positions_witness :
  exists w' child' o, link_shared_states_from witness_parent (witness_cells, witness_child) = Some ((w', child'), Ok tt)
    /\ get child' 0 = Some o /\ offset w' o = 8.
Proof.
  destruct (link_shared_states_from witness_parent (witness_cells, witness_child)) as [[[w' child'] [[]|e]]|] eqn:E;
    [|vm_compute in E; discriminate|vm_compute in E; discriminate].
  destruct (fork_shares_positions witness_parent witness_child witness_cells w' child' (slot_keys (slots_of witness_parent)))
    as [_ H]; [exact witness_cells_ok| |exact E|].
  { intros [|[|i]] s Hs; try discriminate. injection Hs as <-. left. reflexivity. }
  destruct (get child' 0) as [o|] eqn:Eo; [|vm_compute in E; injection E as <- <-; discriminate].
  exists w', child', o. split; [reflexivity|]. split; [exact Eo|]. destruct (H 0%nat o Eo) as (s & Hs & _ & Hin & _).
  unfold offset. rewrite Hin. injection Hs as <-. reflexivity.
Defined.

(** ** Directory iterators *)

Definition run_offsets (b : OpenFileDesc) (vs : list Z) (w : World) : World := foldl (fun w v => set_offset v b w) w vs.

(** How often a sequence of positions moves. *)
Fixpoint changes (position : Z) (vs : list Z) : Z :=
  match vs with [] => 0 | v :: vs' => (if position =? v then 0 else 1) + changes v vs' end.

Lemma changes_nonneg vs : forall p, 0 <= changes p vs.
Proof. induction vs as [|v vs IH]; intros p; simpl; [lia|]. specialize (IH v). case_match; lia. Qed.

Lemma run_offsets_generation b vs : forall w c, inner w b = Some c -> 0 <= cell_generation c < 2 ^ 64 ->
  exists c', inner (run_offsets b vs w) b = Some c' /\ cell_generation c' = (cell_generation c + changes (cell_offset c) vs) mod 2 ^ 64.
Proof.
  induction vs as [|v vs IH]; intros w c Hc Hg; simpl.
  { exists c. split; [done|]. rewrite Z.add_0_r, Z.mod_small by done. done. }
  assert (inner (set_offset v b w) b = Some (mkShared (cell_status_flags c) v (cell_owner_pid c)
    (if cell_offset c =? v then cell_generation c else wrapping_add 64 (cell_generation c) 1) (epoll_identity c))) as Hs.
  { unfold set_offset. by rewrite update_cell_inner, decide_True, Hc by done. }
  destruct (IH _ _ Hs) as (c' & Hc' & Hg').
  { cbn [cell_generation]. destruct (_ =? _); [done|]. apply Z.mod_pos_bound. lia. }
  exists c'. split; [done|]. rewrite Hg'. cbn [cell_generation cell_offset]. destruct (cell_offset c =? v); [done|].
  unfold wrapping_add. rewrite Zplus_mod_idemp_l. f_equal. lia.
Qed.

(** A directory iterator notices that its position moved. The iterator of a
    descriptor that was in step with the shared position is stale after any
    sequence of positions set through descriptors that share its description,
    in any process, exactly when one of them moved the position (fewer than
    2^64 moves). A reset iterator is in step again, at the shared position. *)
Theorem stale_iterator_iff_moved w o b c vs : file_type o = Directory -> shared_state o = shared_state b ->
  inner w o = Some c -> 0 <= cell_generation c < 2 ^ 64 -> dir_position_generation o = cell_generation c ->
  changes (cell_offset c) vs < 2 ^ 64 ->
  let w' := run_offsets b vs w in
  directory_iterator_is_stale w' o = (0 <? changes (cell_offset c) vs)
  /\ directory_iterator_is_stale w' (reset_directory_iterator_for_reopen w' o) = false
  /\ dir_entry_offset (reset_directory_iterator_for_reopen w' o) = Z.max (offset w' o) 0.
Proof.
  intros Hd Hs Hc Hg Ho Hn w'. rewrite (shared_inner w o b Hs) in Hc.
  destruct (run_offsets_generation b vs w c Hc Hg) as (c' & Hc' & Hg'). fold w' in Hc'.
  rewrite <- (shared_inner w' o b Hs) in Hc'. pose proof (changes_nonneg vs (cell_offset c)) as Hpos.
  unfold directory_iterator_is_stale, reset_directory_iterator_for_reopen.
  rewrite (bool_decide_eq_true_2 (file_type o = Directory)) by done.
  rewrite (bool_decide_eq_false_2 (file_type o <> Directory)) by (intros Hx; by apply Hx). cbn [file_type with_iterator dir_position_generation dir_entry_offset].
  split_and!; [|rewrite bool_decide_eq_true_2 by done; cbn [andb]|done].
  - cbn [andb]. unfold position_generation. rewrite Hc'. simpl from_option. rewrite Ho, Hg'.
    destruct (Z.ltb_spec 0 (changes (cell_offset c) vs)) as [Hlt|Hz].
    + apply negb_true_iff, Z.eqb_neq. intros E.
      assert ((cell_generation c + changes (cell_offset c) vs) mod 2 ^ 64 <> cell_generation c); [|lia].
      destruct (Z.lt_ge_cases (cell_generation c + changes (cell_offset c) vs) (2 ^ 64)).
      * rewrite Z.mod_small by lia. lia.
      * rewrite <- (Z.mod_unique (cell_generation c + changes (cell_offset c) vs) (2 ^ 64) 1
          (cell_generation c + changes (cell_offset c) vs - 2 ^ 64)) by lia. lia.
    + apply negb_false_iff, Z.eqb_eq. replace (changes (cell_offset c) vs) with 0 by lia. rewrite Z.add_0_r, Z.mod_small by lia. done.
  - by apply negb_false_iff, Z.eqb_eq.
Qed.

(** ** F_SETFL *)

(** F_SETFL changes O_APPEND and O_NONBLOCK and keeps every other flag, and
    every description on the same cell reads the result. *)
Theorem setfl_changes_two_flags w t idx new_flags o b n : get t idx = Some o -> shared_state b = shared_state o ->
  (exists c, inner w o = Some c) -> 0 <= n < 32 ->
  Z.testbit (status_flags (fst (set_status_flags idx new_flags (w, t))) b) n
  = if Z.testbit SETFL_MODIFIABLE n then Z.testbit new_flags n else Z.testbit (status_flags w o) n.
Proof.
  intros Hg Hs [c Hc] Hn. unfold set_status_flags. cbn [fst snd]. rewrite Hg. cbn [fst].
  unfold status_flags at 1, set_status_flags_raw. rewrite update_cell_inner, decide_True by done.
  rewrite (shared_inner w b o Hs), Hc. simpl. rewrite Z.lor_spec, !Z.land_spec, Z.lxor_spec.
  assert (Z.testbit u32_max n = true) as ->.
  { change u32_max with (Z.ones 32). by apply Z.ones_spec_low. }
  destruct (Z.testbit SETFL_MODIFIABLE n); simpl; rewrite ?andb_true_r, ?andb_false_r, ?orb_false_r; done.
Qed.
