(* ===== verification/OfdLocks.v ===== *)
(** * Locks of open file descriptions that are gone
    (crates/runtime-core/src/process_table.rs)

    OFD and flock locks belong to an open file description and disappear with
    it. A close that cannot tell whether other processes still hold the
    description asks for a check; [release_orphaned_ofd_locks] decides with the
    tables of all processes and the descriptors in flight, and the removal of a
    process applies the same rule to the descriptions it held. *)

From S2P Require Import Prelude Lock Fd IoBuffer OfdRefs Ofd OfdInv Descriptors DescInv DescThms.

Definition table_ids (t : OfdTable) : list Z := map (fun entry => ofd_id (snd entry)) (iter t).

(** [flat_map] over the processes. *)
Definition live_ids (M : Machine) : list Z :=
  concat (map (fun p => table_ids (ofd_table (tables (snd p)))) (map_to_list (procs M))).

Definition is_live (live : list Z) (in_flight : IoBuffer (Z * Z)) (id : Z) : bool :=
  existsb (Z.eqb id) live || has_in_flight_ofd in_flight id.

(** The flag is taken, the locks filtered; the last component says whether
    waiters are woken. The binary search of the sorted identities is
    membership. *)
Definition release_orphaned_ofd_locks (in_flight : IoBuffer (Z * Z)) (M : Machine) (locks : AdvisoryLockManager)
    : Machine * AdvisoryLockManager * bool :=
  let (w, pending) := take_orphaned_ofd_lock_check (world M) in
  let M' := mkMachine w (procs M) in
  if negb pending then (M', locks, false)
  else
    let live := merge_sort Z.le (live_ids M) in
    let (locks', mutation) := remove_dead_ofd_owners locks (is_live live in_flight) in
    (M', locks', may_unblock mutation).

(** The lock part of the removal of a process, which is no longer among the
    processes of [M]: its POSIX locks, then the locks of its descriptions that
    nobody else holds. *)
Fixpoint remove_unreferenced (ids live : list Z) (in_flight : IoBuffer (Z * Z)) (locks : AdvisoryLockManager)
    (changed_so_far : bool) : AdvisoryLockManager * bool :=
  match ids with
  | [] => (locks, changed_so_far)
  | id :: ids' =>
      if is_live live in_flight id then remove_unreferenced ids' live in_flight locks changed_so_far
      else
        let (locks', mutation) := remove_ofd locks id in
        remove_unreferenced ids' live in_flight locks' (changed_so_far || changed mutation)
  end.

Definition remove_process_locks (pid : Z) (removed : OfdTable) (in_flight : IoBuffer (Z * Z)) (M : Machine)
    (locks : AdvisoryLockManager) : AdvisoryLockManager * bool :=
  let (locks1, mutation) := remove_process locks pid in
  remove_unreferenced (table_ids removed) (live_ids M) in_flight locks1 (changed mutation).

(** ** The rule *)

(** The description a lock record belongs to, if it belongs to one. *)
Definition owner_ofd (r : LockRecord) : option Z :=
  match owner r with OpenFileDescription id | Flock id => Some id | Process _ => None end.

(** A description lives while a table of some process or a message holds it. *)
Definition lives (in_flight : IoBuffer (Z * Z)) (M : Machine) (id : Z) : Prop :=
  (exists pid m i o, procs M !! pid = Some m /\ get (ofd_table (tables m)) i = Some o /\ ofd_id o = id)
  \/ 0 < queued in_flight id.

Lemma in_iter t i o : In (i, o) (iter t) <-> get t i = Some o.
Proof.
  rewrite <- list_elem_of_In. unfold iter, get. rewrite list_elem_of_omap. split.
  - intros ([j s] & Hs & E). apply list_elem_of_lookup in Hs as (k & Hk). rewrite list_lookup_imap in Hk.
    destruct (slots_of t !! k) as [s'|] eqn:Es; [|done]. simpl in Hk. injection Hk as -> ->.
    destruct s; simplify_eq/=. by rewrite Es.
  - intros H. destruct (slots_of t !! i) as [[| |v]|] eqn:Es; simplify_eq. exists (i, Open o). split; [|done].
    apply list_elem_of_lookup. exists i. by rewrite list_lookup_imap, Es.
Qed.

Lemma in_table_ids t id : In id (table_ids t) <-> exists i o, get t i = Some o /\ ofd_id o = id.
Proof.
  unfold table_ids. rewrite in_map_iff. split.
  - intros ([i o] & <- & Hin%in_iter). by exists i, o.
  - intros (i & o & Hg%in_iter & <-). by exists (i, o).
Qed.

Lemma in_live_ids M id : In id (live_ids M) <->
  exists pid m i o, procs M !! pid = Some m /\ get (ofd_table (tables m)) i = Some o /\ ofd_id o = id.
Proof.
  unfold live_ids. rewrite in_concat. split.
  - intros (l & Hl & Hid). apply in_map_iff in Hl as ([pid m] & <- & Hin). apply list_elem_of_In, elem_of_map_to_list in Hin.
    apply in_table_ids in Hid as (i & o & ? & ?). by exists pid, m, i, o.
  - intros (pid & m & i & o & Hp & Hg & Hid). exists (table_ids (ofd_table (tables m))). split.
    + apply in_map_iff. exists (pid, m). split; [done|]. by apply list_elem_of_In, elem_of_map_to_list.
    + apply in_table_ids. by exists i, o.
Qed.

Lemma is_live_spec live in_flight M id : queued_ok in_flight -> live ≡ₚ live_ids M ->
  is_live live in_flight id = true <-> lives in_flight M id.
Proof.
  intros Hq Hl. unfold is_live, lives. rewrite orb_true_iff, (has_in_flight_spec _ _ Hq), bool_decide_eq_true, <- in_live_ids.
  rewrite existsb_exists. split.
  - intros [(x & Hx & ->%Z.eqb_eq)|?]; [left|by right]. by rewrite <- list_elem_of_In, <- Hl, list_elem_of_In.
  - intros [H|?]; [left|by right]. exists id. rewrite Z.eqb_refl. split; [|done]. by rewrite <- list_elem_of_In, Hl, list_elem_of_In.
Qed.

Lemma length_filter_full {A} (p : A -> bool) l : length (List.filter p l) = length l <-> forall x, In x l -> p x = true.
Proof.
  induction l as [|x l IH]; simpl; [by split|]. pose proof (filter_length_le p l). destruct (p x) eqn:E; simpl.
  - split; [intros [= H1]; intros y [<-|Hy]; [done|by apply IH]|intros H1; f_equal; apply IH; auto].
  - split; [lia|]. intros H1. specialize (H1 x (or_introl eq_refl)). congruence.
Qed.

(** Orphaned locks are released. When a close asked for the check, exactly the
    locks of open file descriptions that no process and no message holds any
    more disappear, every other lock stays, waiters are woken exactly when a
    lock was released, and the request is consumed; without a request nothing
    changes. *)
Theorem orphaned_locks_released in_flight M locks : queued_ok in_flight ->
  exists M' locks' wake, release_orphaned_ofd_locks in_flight M locks = (M', locks', wake)
    /\ procs M' = procs M /\ orphan_check (world M') = false
    /\ (orphan_check (world M) = false -> locks' = locks /\ wake = false)
    /\ (orphan_check (world M) = true ->
          (forall r, In r (records locks') <->
             In r (records locks) /\ forall id, owner_ofd r = Some id -> lives in_flight M id)
          /\ (wake = false <-> forall r id, In r (records locks) -> owner_ofd r = Some id -> lives in_flight M id)).
Proof.
  intros Hq. unfold release_orphaned_ofd_locks, take_orphaned_ofd_lock_check. destruct (orphan_check (world M)) eqn:Ec; cbn [negb].
  2: { eexists _, _, _. split; [done|]. by split_and!. }
  set (live := merge_sort Z.le (live_ids M)).
  assert (forall id, is_live live in_flight id = true <-> lives in_flight M id) as Hlive.
  { intros id. apply is_live_spec; [done|]. apply merge_sort_Permutation. }
  set (keep := fun r => match owner r with OpenFileDescription id | Flock id => is_live live in_flight id | Process _ => true end).
  assert (forall r, keep r = true <-> forall id, owner_ofd r = Some id -> lives in_flight M id) as Hkeep.
  { intros r. unfold keep, owner_ofd. destruct (owner r); [split; done| |]; rewrite Hlive; split; [by intros ? ? [= <-]|by intros H; apply H..|by intros ? ? [= <-]|by intros H; apply H]. }
  eexists _, _, _. split; [reflexivity|]. cbn [procs world orphan_check with_orphan_check]. split_and!; [done|done|done|].
  intros _. fold keep. cbn [records may_unblock]. split.
  - intros r. rewrite filter_In. by rewrite Hkeep.
  - rewrite negb_false_iff, Z.eqb_eq. split.
    + intros Hlen r id Hr. apply Hkeep. apply (proj1 (length_filter_full keep (records locks))); [lia|done].
    + intros H. f_equal. apply length_filter_full. intros r Hr. apply Hkeep. intros id. by apply H.
Qed.

Lemma in_remove_ofd locks id r : In r (records (fst (remove_ofd locks id))) <-> In r (records locks) /\ owner_ofd r <> Some id.
Proof.
  unfold remove_ofd, retain. cbn [fst records]. rewrite filter_In. unfold owner_ofd.
  destruct (owner r) as [p|i|i]; simpl; [by split; intros [? _]| |]; destruct (Z.eqb_spec i id); simpl; intuition congruence.
Qed.

Lemma in_remove_unreferenced ids live in_flight r : forall locks c,
  In r (records (fst (remove_unreferenced ids live in_flight locks c))) <->
  In r (records locks) /\ forall id, owner_ofd r = Some id -> In id ids -> is_live live in_flight id = true.
Proof.
  induction ids as [|id ids IH]; intros locks c; cbn [remove_unreferenced In]; [by split; [|intros []]|].
  destruct (is_live live in_flight id) eqn:El.
  - rewrite IH. split; intros [H1 H2]; (split; [done|]); intros id' Ho; [intros [<-|Hi]; [done|by apply H2]|by auto].
  - destruct (remove_ofd locks id) as [locks' mut] eqn:Er. rewrite IH.
    assert (In r (records locks') <-> In r (records locks) /\ owner_ofd r <> Some id) as -> by (rewrite <- in_remove_ofd, Er; done).
    split.
    + intros [[H1 H2] H3]. split; [done|]. intros id' Ho [<-|Hi]; [done|by apply H3].
    + intros [H1 H2]. split; [split; [done|]|auto]. intros Ho. specialize (H2 id Ho (or_introl eq_refl)). congruence.
Qed.

(** Removing a process releases its POSIX locks and the locks of exactly those
    of its open file descriptions that no other process and no message holds. *)
Theorem removal_releases_locks pid removed in_flight M locks r : queued_ok in_flight ->
  In r (records (fst (remove_process_locks pid removed in_flight M locks))) <->
  In r (records locks) /\ owner r <> Process pid
  /\ forall id, owner_ofd r = Some id -> In id (table_ids removed) -> lives in_flight M id.
Proof.
  intros Hq. unfold remove_process_locks, remove_process, remove_owner, retain.
  rewrite in_remove_unreferenced. cbn [records]. rewrite filter_In, bool_decide_eq_true.
  split.
  - intros [[H1 H2] H3]. split_and!; [done|done|]. intros id Ho Hi. apply (is_live_spec (live_ids M)); [done|done|by apply H3].
  - intros (H1 & H2 & H3). split; [done|]. intros id Ho Hi. apply (is_live_spec (live_ids M) in_flight M); [done|done|by apply H3].
Qed.

Definition witness_lock : LockRecord :=
  mkLockRecord (Host 1 9) (OpenFileDescription 3) Write (mkLockRange 0 Eof).

Lemma orphaned_locks_released_witness :
  release_orphaned_ofd_locks new (mkMachine (note_possibly_orphaned_ofd_locks initial_world) ∅) (mkManager [witness_lock] 4)
  = (mkMachine initial_world ∅, mkManager [] 4, true)
  /\ ~ lives new (mkMachine (note_possibly_orphaned_ofd_locks initial_world) ∅) 3.
Proof.
  destruct (orphaned_locks_released new (mkMachine (note_possibly_orphaned_ofd_locks initial_world) ∅) (mkManager [witness_lock] 4)
    queued_ok_new) as (M' & locks' & wake & Hrun & _ & _ & _ & H).
  split; [reflexivity|]. destruct (H eq_refl) as [H1 _]. vm_compute in Hrun. injection Hrun as <- <- <-.
  intros Hl. apply (H1 witness_lock). split; [by left|]. intros id [= <-]. exact Hl.
Defined.
