(* ===== verification/Bindings.v ===== *)
(** * Internet port bindings

    The four binding tables of [socket.rs]: UDP and TCP, over IPv4 and over
    IPv6. A binding is one logical reservation of an address and a port with
    the sockets that own it; a forked child owns it beside its parent. The
    trait [HasBindingOwners] is a class with one instance per table, and the
    proofs are made once, for a table with a symmetric conflict between its
    bindings. *)

From S2P Require Import Prelude IoBuffer.

Record BindingOwner : Type := mkOwner { owner_pid : Z; owner_sock_idx : Z }.

#[global] Instance BindingOwner_eq_dec : EqDecision BindingOwner.
Proof. solve_decision. Defined.

(** The trait of the tables: a binding has owners. *)
Class HasBindingOwners (T : Type) : Type := {
  owners : T -> IoBuffer BindingOwner;
  set_owners : IoBuffer BindingOwner -> T -> T;
}.

Definition contains (l : IoBuffer BindingOwner) (o : BindingOwner) : bool := bool_decide (o ∈ values l).
Definition retain_owners (keep : BindingOwner -> bool) (l : IoBuffer BindingOwner) : IoBuffer BindingOwner :=
  mkIoBuffer (List.filter keep (values l)) (capacity l).
Definition is_empty {A} (l : IoBuffer A) : bool := match values l with [] => true | _ => false end.

Section Owners.
Context {T : Type} `{HasBindingOwners T}.
Variable size_of_owner : Z.

(** Both removals: filter every list of owners, then drop the bindings that
    nobody owns. *)
Definition drop_owners (keep : BindingOwner -> bool) (bindings : IoBuffer T) : IoBuffer T :=
  mkIoBuffer
    (List.filter (fun b => negb (is_empty (owners b)))
       (map (fun b => set_owners (retain_owners keep (owners b)) b) (values bindings)))
    (capacity bindings).

Definition remove_binding_owner (pid sock_idx : Z) : IoBuffer T -> IoBuffer T :=
  drop_owners (fun o => negb (owner_pid o =? pid) || negb (owner_sock_idx o =? sock_idx)).

Definition cleanup_binding_owner_pid (pid : Z) : IoBuffer T -> IoBuffer T :=
  drop_owners (fun o => negb (owner_pid o =? pid)).

Definition inherits (parent child : BindingOwner) (b : T) : bool :=
  contains (owners b) parent && negb (contains (owners b) child).

(** A loop over the bindings of a table; the outcomes of allocations are per
    position. *)
Fixpoint prepare_list (mem : nat -> Memory) (parent child : BindingOwner) (l : list T) : option (list T * result unit) :=
  match l with
  | [] => Some ([], Ok tt)
  | b :: rest =>
      let continue b :=
        match prepare_list (fun i => mem (S i)) parent child rest with
        | Some (rest', r) => Some (b :: rest', r)
        | None => None
        end in
      if inherits parent child b then
        match try_reserve size_of_owner (mem 0%nat) 1 (owners b) with
        | Some (o, Ok _) => continue (set_owners o b)
        | Some (o, Err e) => Some (set_owners o b :: rest, Err e)
        | None => None
        end
      else continue b
  end.

Definition prepare_binding_owner (mem : nat -> Memory) (parent child : BindingOwner) : op (IoBuffer T) unit := fun t =>
  match prepare_list mem parent child (values t) with
  | Some (l, r) => Some (mkIoBuffer l (capacity t), r)
  | None => None
  end.

Fixpoint inherit_list (parent child : BindingOwner) (l : list T) : option (list T) :=
  match l with
  | [] => Some []
  | b :: rest =>
      b' ← (if inherits parent child b then
              match push child (owners b) with
              | Some (o, _) => Some (set_owners o b)
              | None => None
              end
            else Some b);
      rest' ← inherit_list parent child rest;
      Some (b' :: rest')
  end.

Definition inherit_binding_owner (parent child : BindingOwner) (t : IoBuffer T) : option (IoBuffer T) :=
  l ← inherit_list parent child (values t);
  Some (mkIoBuffer l (capacity t)).
End Owners.

(** ** The four tables *)

Definition any4 : list Z := [0; 0; 0; 0].
Definition any6 : list Z := replicate 16 0.

Record UdpBinding : Type := mkUdp {
  udp_owners : IoBuffer BindingOwner; udp_addr : list Z; udp_port : Z; udp_reuse_addr : bool;
}.
Record Udp6Binding : Type := mkUdp6 {
  udp6_owners : IoBuffer BindingOwner; udp6_addr : list Z; udp6_port : Z; udp6_reuse_addr : bool;
}.
Record TcpBinding : Type := mkTcp { tcp_owners : IoBuffer BindingOwner; tcp_addr : list Z; tcp_port : Z }.
Record Tcp6Binding : Type := mkTcp6 { tcp6_owners : IoBuffer BindingOwner; tcp6_addr : list Z; tcp6_port : Z }.

#[global] Instance udp_has_owners : HasBindingOwners UdpBinding :=
  {| owners := udp_owners; set_owners o b := mkUdp o (udp_addr b) (udp_port b) (udp_reuse_addr b) |}.
#[global] Instance udp6_has_owners : HasBindingOwners Udp6Binding :=
  {| owners := udp6_owners; set_owners o b := mkUdp6 o (udp6_addr b) (udp6_port b) (udp6_reuse_addr b) |}.
#[global] Instance tcp_has_owners : HasBindingOwners TcpBinding :=
  {| owners := tcp_owners; set_owners o b := mkTcp o (tcp_addr b) (tcp_port b) |}.
#[global] Instance tcp6_has_owners : HasBindingOwners Tcp6Binding :=
  {| owners := tcp6_owners; set_owners o b := mkTcp6 o (tcp6_addr b) (tcp6_port b) |}.

Definition udp_addr_conflicts (a b : list Z) : bool :=
  bool_decide (a = any4) || bool_decide (b = any4) || bool_decide (a = b).
Definition udp_addr_matches (bound dst : list Z) : bool := bool_decide (bound = any4) || bool_decide (bound = dst).
Definition udp6_addr_conflicts (a b : list Z) : bool :=
  bool_decide (a = any6) || bool_decide (b = any6) || bool_decide (a = b).
Definition tcp_addr_conflicts (a b : list Z) : bool :=
  bool_decide (a = any4) || bool_decide (b = any4) || bool_decide (a = b).
Definition tcp6_addr_conflicts (a b : list Z) : bool :=
  bool_decide (a = any6) || bool_decide (b = any6) || bool_decide (a = b).

(** Whether a process-local socket is among the owners, alone. *)
Definition owned_by {T} `{HasBindingOwners T} (pid sock_idx : Z) (b : T) : bool :=
  existsb (fun o => (owner_pid o =? pid) && (owner_sock_idx o =? sock_idx)) (values (owners b)).
Definition sole_owner {T} `{HasBindingOwners T} (pid sock_idx : Z) (b : T) : bool :=
  owned_by pid sock_idx b && (len (owners b) =? 1).

Definition udp_can_bind (pid sock_idx : Z) (addr : list Z) (port : Z) (reuse_addr : bool) (t : IoBuffer UdpBinding) : bool :=
  forallb (fun b =>
    if sole_owner pid sock_idx b then true
    else negb ((udp_port b =? port) && udp_addr_conflicts (udp_addr b) addr && negb (udp_reuse_addr b && reuse_addr)))
    (values t).

Definition udp6_can_bind (pid sock_idx : Z) (addr : list Z) (port : Z) (reuse_addr : bool) (t : IoBuffer Udp6Binding) : bool :=
  forallb (fun b =>
    sole_owner pid sock_idx b || negb (udp6_port b =? port) || negb (udp6_addr_conflicts (udp6_addr b) addr)
    || (udp6_reuse_addr b && reuse_addr))
    (values t).

Definition tcp_can_bind (pid sock_idx : Z) (addr : list Z) (port : Z) (t : IoBuffer TcpBinding) : bool :=
  forallb (fun b =>
    if sole_owner pid sock_idx b then true
    else negb ((tcp_port b =? port) && tcp_addr_conflicts (tcp_addr b) addr))
    (values t).

Definition tcp6_can_bind (pid sock_idx : Z) (addr : list Z) (port : Z) (t : IoBuffer Tcp6Binding) : bool :=
  forallb (fun b =>
    sole_owner pid sock_idx b || negb (tcp6_port b =? port) || negb (tcp6_addr_conflicts (tcp6_addr b) addr))
    (values t).

(** The outcomes of the two allocations of a registration: the list of owners
    and the slot of the table. *)
Record BindMemory : Type := mkBindMemory { owners_memory : Memory; table_memory : Memory }.

Section Register.
Variable size_of_owner size_of_binding : Z.

Definition new_owners (mem : Memory) (pid sock_idx : Z) {S} : op S (IoBuffer BindingOwner) := fun s =>
  match copy_from size_of_owner mem [mkOwner pid sock_idx] with
  | Some r => Some (s, r)
  | None => None
  end.

Definition udp_register (mem : BindMemory) (pid sock_idx : Z) (addr : list Z) (port : Z) (reuse_addr : bool)
    : op (IoBuffer UdpBinding) unit := fun t =>
  if port =? 0 then Some (t, Err EINVAL)
  else if existsb (fun b => bool_decide (udp_addr b = addr) && (udp_port b =? port)
                            && Bool.eqb (udp_reuse_addr b) reuse_addr && owned_by pid sock_idx b) (values t)
  then Some (t, Ok tt)
  else if negb (udp_can_bind pid sock_idx addr port reuse_addr t) then Some (t, Err EADDRINUSE)
  else
    (do! own <- new_owners (owners_memory mem) pid sock_idx;
     do! _ <- try_reserve size_of_binding (table_memory mem) 1;
     do! _ <- op_modify (remove_binding_owner pid sock_idx);
     push (mkUdp own addr port reuse_addr)) t.

Definition udp6_register (mem : BindMemory) (pid sock_idx : Z) (addr : list Z) (port : Z) (reuse_addr : bool)
    : op (IoBuffer Udp6Binding) unit := fun t =>
  if port =? 0 then Some (t, Err EINVAL)
  else if existsb (fun b => bool_decide (udp6_addr b = addr) && (udp6_port b =? port)
                            && Bool.eqb (udp6_reuse_addr b) reuse_addr && owned_by pid sock_idx b) (values t)
  then Some (t, Ok tt)
  else if negb (udp6_can_bind pid sock_idx addr port reuse_addr t) then Some (t, Err EADDRINUSE)
  else
    (do! own <- new_owners (owners_memory mem) pid sock_idx;
     do! _ <- try_reserve size_of_binding (table_memory mem) 1;
     do! _ <- op_modify (remove_binding_owner pid sock_idx);
     push (mkUdp6 own addr port reuse_addr)) t.

Definition tcp_register (mem : BindMemory) (pid sock_idx : Z) (addr : list Z) (port : Z)
    : op (IoBuffer TcpBinding) unit := fun t =>
  if port =? 0 then Some (t, Err EINVAL)
  else if existsb (fun b => bool_decide (tcp_addr b = addr) && (tcp_port b =? port) && owned_by pid sock_idx b) (values t)
  then Some (t, Ok tt)
  else if negb (tcp_can_bind pid sock_idx addr port t) then Some (t, Err EADDRINUSE)
  else
    (do! own <- new_owners (owners_memory mem) pid sock_idx;
     do! _ <- try_reserve size_of_binding (table_memory mem) 1;
     do! _ <- op_modify (remove_binding_owner pid sock_idx);
     push (mkTcp own addr port)) t.

Definition tcp6_register (mem : BindMemory) (pid sock_idx : Z) (addr : list Z) (port : Z)
    : op (IoBuffer Tcp6Binding) unit := fun t =>
  if port =? 0 then Some (t, Err EINVAL)
  else if existsb (fun b => bool_decide (tcp6_addr b = addr) && (tcp6_port b =? port) && owned_by pid sock_idx b) (values t)
  then Some (t, Ok tt)
  else if negb (tcp6_can_bind pid sock_idx addr port t) then Some (t, Err EADDRINUSE)
  else
    (do! own <- new_owners (owners_memory mem) pid sock_idx;
     do! _ <- try_reserve size_of_binding (table_memory mem) 1;
     do! _ <- op_modify (remove_binding_owner pid sock_idx);
     push (mkTcp6 own addr port)) t.
End Register.

Definition udp_unregister (pid sock_idx : Z) (t : IoBuffer UdpBinding) := remove_binding_owner pid sock_idx t.
Definition udp6_unregister (pid sock_idx : Z) (t : IoBuffer Udp6Binding) := remove_binding_owner pid sock_idx t.
Definition tcp_unregister (pid sock_idx : Z) (t : IoBuffer TcpBinding) := remove_binding_owner pid sock_idx t.
Definition tcp6_unregister (pid sock_idx : Z) (t : IoBuffer Tcp6Binding) := remove_binding_owner pid sock_idx t.
Definition udp_cleanup_process (pid : Z) (t : IoBuffer UdpBinding) := cleanup_binding_owner_pid pid t.
Definition udp6_cleanup_process (pid : Z) (t : IoBuffer Udp6Binding) := cleanup_binding_owner_pid pid t.
Definition tcp_cleanup_process (pid : Z) (t : IoBuffer TcpBinding) := cleanup_binding_owner_pid pid t.
Definition tcp6_cleanup_process (pid : Z) (t : IoBuffer Tcp6Binding) := cleanup_binding_owner_pid pid t.

(** ** Delivery targets *)

Record UdpEndpoint : Type := mkEndpoint {
  ep_pid : Z; ep_sock_idx : Z; ep_addr : list Z; ep_port : Z; ep_reuse_addr : bool;
}.

(** The iterator keeps indices and reads the table at every call. *)
Record UdpEndpoints : Type := mkEndpoints { it_addr : list Z; it_port : Z; binding_index : nat; owner_index : nat }.

Definition udp_endpoints (dst_addr : list Z) (dst_port : Z) : UdpEndpoints := mkEndpoints dst_addr dst_port 0 0.

Definition endpoint (b : UdpBinding) (o : BindingOwner) : UdpEndpoint :=
  mkEndpoint (owner_pid o) (owner_sock_idx o) (udp_addr b) (udp_port b) (udp_reuse_addr b).

(** The loop of [next] over the bindings from [binding_index] on. *)
Fixpoint next_loop (it : UdpEndpoints) (rest : list UdpBinding) : UdpEndpoints * option UdpEndpoint :=
  match rest with
  | [] => (it, None)
  | b :: rest =>
      let skip := next_loop (mkEndpoints (it_addr it) (it_port it) (S (binding_index it)) 0) rest in
      if (udp_port b =? it_port it) && udp_addr_matches (udp_addr b) (it_addr it) then
        match values (udp_owners b) !! owner_index it with
        | Some o => (mkEndpoints (it_addr it) (it_port it) (binding_index it) (S (owner_index it)), Some (endpoint b o))
        | None => skip
        end
      else skip
  end.

Definition next (t : IoBuffer UdpBinding) (it : UdpEndpoints) : UdpEndpoints * option UdpEndpoint :=
  next_loop it (drop (binding_index it) (values t)).

(** The reference the tests use. *)
Definition udp_lookup (t : IoBuffer UdpBinding) (dst_addr : list Z) (dst_port : Z) : list UdpEndpoint :=
  flat_map (fun b => map (endpoint b) (values (udp_owners b)))
    (List.filter (fun b => (udp_port b =? dst_port) && udp_addr_matches (udp_addr b) dst_addr) (values t)).

(** ** All tables of the kernel *)

Record BindingTables : Type := mkTables {
  udp_bindings : IoBuffer UdpBinding; udp6_bindings : IoBuffer Udp6Binding;
  tcp_bindings : IoBuffer TcpBinding; tcp6_bindings : IoBuffer Tcp6Binding;
}.

Definition no_bindings : BindingTables := mkTables new new new new.

(** A method of one table as a method of all of them. *)
Definition on_udp {A} (m : op (IoBuffer UdpBinding) A) : op BindingTables A := fun B =>
  match m (udp_bindings B) with
  | Some (t, r) => Some (mkTables t (udp6_bindings B) (tcp_bindings B) (tcp6_bindings B), r)
  | None => None
  end.
Definition on_udp6 {A} (m : op (IoBuffer Udp6Binding) A) : op BindingTables A := fun B =>
  match m (udp6_bindings B) with
  | Some (t, r) => Some (mkTables (udp_bindings B) t (tcp_bindings B) (tcp6_bindings B), r)
  | None => None
  end.
Definition on_tcp {A} (m : op (IoBuffer TcpBinding) A) : op BindingTables A := fun B =>
  match m (tcp_bindings B) with
  | Some (t, r) => Some (mkTables (udp_bindings B) (udp6_bindings B) t (tcp6_bindings B), r)
  | None => None
  end.
Definition on_tcp6 {A} (m : op (IoBuffer Tcp6Binding) A) : op BindingTables A := fun B =>
  match m (tcp6_bindings B) with
  | Some (t, r) => Some (mkTables (udp_bindings B) (udp6_bindings B) (tcp_bindings B) t, r)
  | None => None
  end.

(** The outcomes of the reservations of a fork, per table and binding. *)
Record InheritMemory : Type := mkInheritMemory {
  udp_mem : nat -> Memory; udp6_mem : nat -> Memory; tcp_mem : nat -> Memory; tcp6_mem : nat -> Memory;
}.

Definition prepare_inet_binding_owners (size_of_owner : Z) (mem : InheritMemory) (parent_pid child_pid sock_idx : Z)
    : op BindingTables unit :=
  let parent := mkOwner parent_pid sock_idx in
  let child := mkOwner child_pid sock_idx in
  do! _ <- on_udp (prepare_binding_owner size_of_owner (udp_mem mem) parent child);
  do! _ <- on_udp6 (prepare_binding_owner size_of_owner (udp6_mem mem) parent child);
  do! _ <- on_tcp (prepare_binding_owner size_of_owner (tcp_mem mem) parent child);
  on_tcp6 (prepare_binding_owner size_of_owner (tcp6_mem mem) parent child).

Definition publish_inet_binding_owners (parent_pid child_pid sock_idx : Z) (B : BindingTables) : option BindingTables :=
  let parent := mkOwner parent_pid sock_idx in
  let child := mkOwner child_pid sock_idx in
  u ← inherit_binding_owner parent child (udp_bindings B);
  u6 ← inherit_binding_owner parent child (udp6_bindings B);
  t ← inherit_binding_owner parent child (tcp_bindings B);
  t6 ← inherit_binding_owner parent child (tcp6_bindings B);
  Some (mkTables u u6 t t6).

(** ** One table *)

(** What the proofs use of a table: lists of owners are replaced, and two
    bindings can clash, whoever owns them. *)
Class PortTable (T : Type) `{HasBindingOwners T} : Type := {
  clash : T -> T -> bool;
  owners_set o (b : T) : owners (set_owners o b) = o;
  set_set o o' (b : T) : set_owners o (set_owners o' b) = set_owners o b;
  set_id (b : T) : set_owners (owners b) b = b;
  clash_sym a b : clash a b = clash b a;
  clash_set o a b : clash (set_owners o a) b = clash a b;
}.

Lemma conflict_sym (any a b : list Z) :
  bool_decide (a = any) || bool_decide (b = any) || bool_decide (a = b)
  = bool_decide (b = any) || bool_decide (a = any) || bool_decide (b = a).
Proof. repeat case_bool_decide; first [reflexivity|congruence]. Qed.

#[global] Program Instance udp_table : PortTable UdpBinding :=
  {| clash a b := (udp_port a =? udp_port b) && udp_addr_conflicts (udp_addr a) (udp_addr b)
                  && negb (udp_reuse_addr a && udp_reuse_addr b) |}.
Solve Obligations with (intros; done || (by destruct b)).
Next Obligation. intros. cbn beta. unfold udp_addr_conflicts. by rewrite Z.eqb_sym, conflict_sym, (andb_comm (udp_reuse_addr a)). Qed.

#[global] Program Instance udp6_table : PortTable Udp6Binding :=
  {| clash a b := (udp6_port a =? udp6_port b) && udp6_addr_conflicts (udp6_addr a) (udp6_addr b)
                  && negb (udp6_reuse_addr a && udp6_reuse_addr b) |}.
Solve Obligations with (intros; done || (by destruct b)).
Next Obligation. intros. cbn beta. unfold udp6_addr_conflicts. by rewrite Z.eqb_sym, conflict_sym, (andb_comm (udp6_reuse_addr a)). Qed.

#[global] Program Instance tcp_table : PortTable TcpBinding :=
  {| clash a b := (tcp_port a =? tcp_port b) && tcp_addr_conflicts (tcp_addr a) (tcp_addr b) |}.
Solve Obligations with (intros; done || (by destruct b)).
Next Obligation. intros. cbn beta. unfold tcp_addr_conflicts. by rewrite Z.eqb_sym, conflict_sym. Qed.

#[global] Program Instance tcp6_table : PortTable Tcp6Binding :=
  {| clash a b := (tcp6_port a =? tcp6_port b) && tcp6_addr_conflicts (tcp6_addr a) (tcp6_addr b) |}.
Solve Obligations with (intros; done || (by destruct b)).
Next Obligation. intros. cbn beta. unfold tcp6_addr_conflicts. by rewrite Z.eqb_sym, conflict_sym. Qed.
