(* ===== verification/BindInv.v ===== *)
(** * Port bindings: invariant and steps

    The invariant of a binding table, for all four tables at once, the
    specification of each operation, the runs of the whole kernel, and the
    theorems on ports. *)

From S2P Require Import Prelude IoBuffer Bindings.

(** ** Pairs of a list *)

Lemma pairs_filter {A} (R : A -> A -> Prop) (p : A -> bool) l : ForallOrdPairs R l -> ForallOrdPairs R (List.filter p l).
Proof.
  induction 1 as [|a l Ha Hl IH]; simpl; [constructor|]. destruct (p a); [|done]. constructor; [|done].
  rewrite List.Forall_forall in *. intros x [Hx _]%filter_In. auto.
Qed.

Lemma pairs_map {A} (R : A -> A -> Prop) (f : A -> A) l : (forall a b, R a b -> R (f a) (f b)) ->
  ForallOrdPairs R l -> ForallOrdPairs R (map f l).
Proof.
  intros Hf. induction 1 as [|a l Ha Hl IH]; simpl; [constructor|]. constructor; [|done].
  rewrite List.Forall_forall in *. intros x (y & <- & Hy)%in_map_iff. auto.
Qed.

Lemma pairs_snoc {A} (R : A -> A -> Prop) l x : ForallOrdPairs R l -> (forall a, In a l -> R a x) -> ForallOrdPairs R (l ++ [x]).
Proof.
  induction 1 as [|a l Ha Hl IH]; simpl; intros Hx; [repeat constructor|]. constructor; [|auto].
  apply Forall_app. split; [done|]. repeat constructor. auto.
Qed.

Lemma pairs_lookup {A} (R : A -> A -> Prop) l i j a b : ForallOrdPairs R l -> (forall a b, R a b -> R b a) ->
  l !! i = Some a -> l !! j = Some b -> i <> j -> R a b.
Proof.
  intros H Hsym. revert i j a b. induction H as [|x l Hx Hl IH]; intros i j a b Hi Hj Hne; [done|].
  rewrite List.Forall_forall in Hx. destruct i as [|i], j as [|j]; simpl in *.
  - done.
  - injection Hi as <-. apply Hx. by eapply list_elem_of_In, list_elem_of_lookup_2.
  - injection Hj as <-. apply Hsym, Hx. by eapply list_elem_of_In, list_elem_of_lookup_2.
  - eapply IH; eauto.
Qed.

Lemma forallb_false {A} (p : A -> bool) l : forallb p l = false -> exists x, In x l /\ p x = false.
Proof.
  induction l as [|x l IH]; simpl; [done|]. intros [Hx|Hl]%andb_false_iff; [by exists x; auto|].
  destruct (IH Hl) as (y & ? & ?). exists y. auto.
Qed.

Section Table.
Context {T : Type} `{PortTable T}.
Implicit Types (b : T) (t : IoBuffer T) (o : BindingOwner).

Definition owned o b : Prop := o ∈ values (owners b).

(** Two bindings do not clash and have no owner in common. *)
Definition apart (a b : T) : Prop := clash a b = false /\ forall o, owned o a -> ~ owned o b.

Record table_ok t : Prop := {
  tok_buf : buf_ok t;
  tok_owners : forall b, In b (values t) -> values (owners b) <> [] /\ NoDup (values (owners b)) /\ buf_ok (owners b);
  tok_apart : ForallOrdPairs apart (values t);
  tok_index : forall b o o', In b (values t) -> owned o b -> owned o' b -> owner_sock_idx o = owner_sock_idx o';
}.

Lemma new_ok : table_ok new.
Proof. split; simpl; [done|done|constructor|done]. Qed.

Lemma apart_sym (a b : T) : apart a b -> apart b a.
Proof. intros [H1 H2]. split; [by rewrite clash_sym|]. intros o Ha Hb. by apply (H2 o). Qed.

Lemma clash_set_r l (a b : T) : clash a (set_owners l b) = clash a b.
Proof. rewrite clash_sym, clash_set. apply clash_sym. Qed.

Lemma clash_set_both l l' (a b : T) : clash (set_owners l a) (set_owners l' b) = clash a b.
Proof. by rewrite clash_set, clash_set_r. Qed.

Lemma owned_by_iff pid idx b : owned_by pid idx b = true <-> owned (mkOwner pid idx) b.
Proof.
  unfold owned_by, owned. rewrite existsb_exists, list_elem_of_In. split.
  - intros ([p i] & Hin & Heq). to_prop. simpl in *. by subst.
  - intros Hin. exists (mkOwner pid idx). split; [done|]. simpl. by rewrite !Z.eqb_refl.
Qed.

Lemma sole_owner_iff pid idx b : sole_owner pid idx b = true <-> values (owners b) = [mkOwner pid idx].
Proof.
  unfold sole_owner, len. rewrite andb_true_iff, owned_by_iff. unfold owned. split.
  - intros [Hin Hl]. to_prop. destruct (values (owners b)) as [|o [|o' l]]; simpl in *; [lia| |lia].
    apply list_elem_of_singleton in Hin. by subst.
  - intros ->. split; [by apply list_elem_of_singleton|done].
Qed.

Lemma contains_iff (l : IoBuffer BindingOwner) o : contains l o = true <-> o ∈ values l.
Proof. unfold contains. by rewrite bool_decide_eq_true. Qed.

Lemma is_empty_iff {A} (l : IoBuffer A) : is_empty l = true <-> values l = [].
Proof. unfold is_empty. by destruct (values l). Qed.

(** ** Removals *)

(** What is left of a binding. *)
Definition kept (keep : BindingOwner -> bool) b : T := set_owners (retain_owners keep (owners b)) b.

Lemma owned_kept keep o b : owned o (kept keep b) <-> owned o b /\ keep o = true.
Proof. unfold owned, kept. rewrite owners_set. simpl. by rewrite !list_elem_of_In, filter_In. Qed.

Lemma owned_nonempty o b : owned o b -> values (owners b) <> [].
Proof. unfold owned. intros Ho He. rewrite He in Ho. by apply not_elem_of_nil in Ho. Qed.

Lemma in_drop_owners keep t b' : In b' (values (drop_owners keep t)) <->
  exists b, In b (values t) /\ b' = kept keep b /\ exists o, owned o b /\ keep o = true.
Proof.
  unfold drop_owners. simpl. rewrite filter_In, in_map_iff. split.
  - intros ((b & <- & Hb) & He). exists b. split_and!; [done|done|]. apply negb_true_iff, not_true_iff_false in He.
    rewrite is_empty_iff in He. fold (kept keep b) in He. destruct (values (owners (kept keep b))) as [|o l] eqn:E; [done|].
    exists o. apply owned_kept. unfold owned. rewrite E. by left.
  - intros (b & Hb & -> & o & Ho & Hk). split; [by exists b|]. apply negb_true_iff, not_true_iff_false.
    rewrite is_empty_iff. apply (owned_nonempty o). by apply owned_kept.
Qed.

Lemma drop_owners_ok keep t : table_ok t -> table_ok (drop_owners keep t).
Proof.
  intros [H1 H2 H3 H4]. split.
  - unfold buf_ok, len in *. simpl. pose proof (List.filter_length_le (fun b : T => negb (is_empty (owners b)))
      (map (fun b => set_owners (retain_owners keep (owners b)) b) (values t))) as Hl. rewrite length_map in Hl. lia.
  - intros b' (b & Hb & -> & o & Ho & Hk)%in_drop_owners. destruct (H2 b Hb) as (_ & Hnd & Hbuf).
    split; [apply (owned_nonempty o); by apply owned_kept|]. unfold kept. rewrite owners_set. split.
    + simpl. by apply NoDup_ListNoDup, List.NoDup_filter, NoDup_ListNoDup.
    + unfold buf_ok, len in *. simpl. pose proof (List.filter_length_le keep (values (owners b))). lia.
  - unfold drop_owners. simpl. apply pairs_filter, pairs_map; [|done]. intros a b [Hc Ho]. split.
    + by rewrite clash_set_both.
    + intros o Ha Hb. apply (Ho o); [apply (owned_kept keep)|apply (owned_kept keep)]; assumption.
  - intros b' o o' (b & Hb & -> & _)%in_drop_owners [Ho _]%owned_kept [Ho' _]%owned_kept. by apply (H4 b).
Qed.

Lemma keep_other pid idx o : negb (owner_pid o =? pid) || negb (owner_sock_idx o =? idx) = true <-> o <> mkOwner pid idx.
Proof.
  destruct o as [p i]. simpl. rewrite orb_true_iff, !negb_true_iff, !Z.eqb_neq. split.
  - intros [Hn|Hn] [= <- <-]; done.
  - intros Hn. destruct (Z.eq_dec p pid) as [->|]; [|by left]. right. intros ->. done.
Qed.

(** ** Registration *)

(** The four registrations are this one. *)
Definition register_with (size_of_owner size_of_binding : Z) (mem : BindMemory) (pid sock_idx port : Z) (same : T -> bool)
    (mk : IoBuffer BindingOwner -> T) : op (IoBuffer T) unit := fun t =>
  if port =? 0 then Some (t, Err EINVAL)
  else if existsb (fun b => same b && owned_by pid sock_idx b) (values t) then Some (t, Ok tt)
  else if negb (forallb (fun b => sole_owner pid sock_idx b || negb (clash b (mk new))) (values t)) then Some (t, Err EADDRINUSE)
  else
    (do! own <- new_owners size_of_owner (owners_memory mem) pid sock_idx;
     do! _ <- try_reserve size_of_binding (table_memory mem) 1;
     do! _ <- op_modify (remove_binding_owner pid sock_idx);
     push (mk own)) t.

(** The outcome of a registration of [me] as [place]: nothing on an error and
    for a binding [me] has already; otherwise [me] leaves every binding it was
    in and owns a new one alone. *)
Definition registered (me : BindingOwner) (port : Z) (same : T -> bool) (mk : IoBuffer BindingOwner -> T) t t' (r : result unit) : Prop :=
  match r with
  | Ok _ => port <> 0 /\ (t' = t /\ (exists b, In b (values t) /\ same b = true /\ owned me b)
      \/ (forall b, In b (values t) -> clash b (mk new) = true -> values (owners b) = [me])
         /\ exists own, values own = [me] /\ values t' = values (remove_binding_owner (owner_pid me) (owner_sock_idx me) t) ++ [mk own])
  | Err e => t' = t /\ (e = EINVAL <-> port = 0)
      /\ (e = EADDRINUSE -> exists b, In b (values t) /\ clash b (mk new) = true /\ values (owners b) <> [me])
      /\ (port <> 0 -> (exists b, In b (values t) /\ clash b (mk new) = true /\ values (owners b) <> [me]) ->
          (forall b, In b (values t) -> same b = true -> ~ owned me b) -> e = EADDRINUSE)
  end.

Lemma register_with_spec so sb mem pid idx port same mk t : table_ok t ->
  (forall l, owners (mk l) = l) -> (forall l, mk l = set_owners l (mk new)) ->
  exists t' r, register_with so sb mem pid idx port same mk t = Some (t', r) /\ table_ok t'
    /\ registered (mkOwner pid idx) port same mk t t' r.
Proof.
  intros Hok Hmk Hset. unfold register_with. destruct (Z.eqb_spec port 0) as [->|Hport].
  { exists t, (Err EINVAL). split_and!; try done. }
  assert (forall b, sole_owner pid idx b || negb (clash b (mk new)) = true <-> (clash b (mk new) = true -> values (owners b) = [mkOwner pid idx])) as Hfree.
  { intros b. rewrite orb_true_iff, sole_owner_iff, negb_true_iff. destruct (clash b (mk new)); intuition congruence. }
  destruct (existsb _ _) eqn:Hsame.
  { exists t, (Ok tt). split_and!; [done..|]. split; [done|]. left. split; [done|]. apply existsb_exists in Hsame as (b & Hb & Hs).
    apply andb_true_iff in Hs as [Hs Ho]. exists b. by rewrite <- owned_by_iff. }
  destruct (forallb _ _) eqn:Hall; cbn [negb].
  2: { exists t, (Err EADDRINUSE). split_and!; [done..|]. split_and!; [done|done| |done].
       intros _. apply forallb_false in Hall as (b & Hb & [Hs Hc%negb_false_iff]%orb_false_iff).
       exists b. split_and!; [done..|]. intros He%sole_owner_iff. congruence. }
  rewrite forallb_forall in Hall. assert (forall b, In b (values t) -> clash b (mk new) = true -> values (owners b) = [mkOwner pid idx]) as Hclash.
  { intros b Hb. apply Hfree. by apply Hall. }
  assert (forall e, e <> EINVAL -> e <> EADDRINUSE -> registered (mkOwner pid idx) port same mk t t (Err e)) as Herr.
  { intros e He He'. split_and!; [done|done|done|]. intros _ (b & Hb & Hc & Hn). by destruct Hn; apply Hclash. }
  unfold op_bind, new_owners, op_modify.
  destruct (copy_from_total so (owners_memory mem) [mkOwner pid idx]) as ([own|e] & Ec & Hown); rewrite Ec.
  2: { exists t, (Err e). split_and!; [done..|]. destruct (copy_from_errors _ _ _ _ Ec) as [->| ->]; by apply Herr. }
  destruct (Hown own eq_refl) as [Hv Hb]. destruct (try_reserve_spec sb (table_memory mem) 1 t) as (t1 & [[]|e] & -> & R1 & R2 & R3 & R4).
  2: { destruct (R4 e eq_refl) as [-> He]. exists t, (Err e). split_and!; [done..|]. destruct He as [->| ->]; by apply Herr. }
  specialize (R3 eq_refl). assert (table_ok t1) as Hok1.
  { destruct Hok as [B1 B2 B3 B4]. split; [unfold buf_ok, len in *; rewrite R1; lia|by rewrite R1..]. }
  assert (values (remove_binding_owner pid idx t1) = values (remove_binding_owner pid idx t)) as Hrem by (unfold remove_binding_owner, drop_owners; by rewrite R1).
  pose proof (drop_owners_ok (fun o => negb (owner_pid o =? pid) || negb (owner_sock_idx o =? idx)) t1 Hok1) as [D1 D2 D3 D4].
  fold (remove_binding_owner pid idx t1) in D1, D2, D3, D4.
  destruct (push_spec (mk own) (remove_binding_owner pid idx t1)) as [-> Hbuf].
  { unfold len, remove_binding_owner, drop_owners in *. simpl. rewrite R1.
    pose proof (List.filter_length_le (fun b : T => negb (is_empty (owners b))) (map (fun b => set_owners
      (retain_owners (fun o => negb (owner_pid o =? pid) || negb (owner_sock_idx o =? idx)) (owners b)) b) (values t))) as Hl.
    rewrite length_map in Hl. lia. }
  eexists _, (Ok tt). split; [done|]. split.
  - split; cbn [values capacity]; [done| | |].
    + intros b [Hin|[<-|[]]]%in_app_iff; [by apply D2|]. rewrite Hmk, Hv. split_and!; [done|apply NoDup_singleton|done].
    + apply pairs_snoc; [done|]. intros b' (b & Hin & -> & o & Ho & Hk)%in_drop_owners. rewrite R1 in Hin. split.
      * unfold kept. rewrite clash_set, (Hset own), clash_set_r. apply not_true_iff_false. intros Hc.
        specialize (Hclash b Hin Hc). unfold owned in Ho. rewrite Hclash in Ho. apply list_elem_of_singleton in Ho as ->.
        by apply keep_other in Hk.
      * intros o' [_ Hk']%owned_kept Hnew. unfold owned in Hnew. rewrite Hmk, Hv in Hnew. apply list_elem_of_singleton in Hnew as ->.
        by apply keep_other in Hk'.
    + intros b o o' [Hin|[<-|[]]]%in_app_iff; [by apply D4|]. unfold owned. rewrite Hmk, Hv.
      by intros ->%list_elem_of_singleton ->%list_elem_of_singleton.
  - split; [done|]. right. split; [done|]. exists own. cbn [values owner_pid owner_sock_idx]. by rewrite Hrem.
Qed.

(** ** Fork *)

(** A reservation changes capacities only. *)
Definition regrown b b' : Prop :=
  exists c, b' = set_owners (mkIoBuffer (values (owners b)) c) b /\ capacity (owners b) <= c.

Lemma regrown_refl b : regrown b b.
Proof. exists (capacity (owners b)). split; [|lia]. rewrite <- (set_id b) at 1. f_equal. by destruct (owners b). Qed.

Lemma regrown_list (l : list T) : Forall2 regrown l l.
Proof. induction l as [|x l IH]; constructor; auto using regrown_refl. Qed.

Lemma prepare_list_spec so mem parent child l : exists l' r, prepare_list so mem parent child l = Some (l', r)
  /\ Forall2 regrown l l'
  /\ (r = Ok tt -> Forall (fun b => inherits parent child b = true -> len (owners b) < capacity (owners b)) l').
Proof.
  revert mem. induction l as [|b l IH]; intros mem; [exists [], (Ok tt); split_and!; [done|constructor|constructor]|]. cbn [prepare_list].
  destruct (IH (fun i => mem (S i))) as (l' & r & -> & Hl & Hr). destruct (inherits parent child b) eqn:Hi.
  2: { exists (b :: l'), r. split_and!; [done|constructor; [apply regrown_refl|done]|]. intros E. constructor; [by rewrite Hi|auto]. }
  destruct (try_reserve_spec so (mem 0%nat) 1 (owners b)) as ([vs c] & [[]|e] & -> & R1 & R2 & R3 & R4); simpl in *.
  - exists (set_owners (mkIoBuffer vs c) b :: l'), r. split_and!; [done|constructor; [|done]; exists c; by rewrite R1|].
    intros E. constructor; [|auto]. intros _. rewrite owners_set. simpl. specialize (R3 eq_refl). unfold len in *. simpl. rewrite R1. lia.
  - destruct (R4 e eq_refl) as [Hb _]. eexists _, (Err e). split; [done|]. split; [|done]. rewrite Hb, set_id.
    constructor; [apply regrown_refl|apply regrown_list].
Qed.

Lemma regrown_apart l l' : Forall2 regrown l l' -> ForallOrdPairs apart l -> ForallOrdPairs apart l'.
Proof.
  induction 1 as [|b b' l l' (c & -> & _) Hl IH]; [done|]. inversion 1 as [|? ? Hb Hp]; subst. constructor; [|auto].
  rewrite List.Forall_forall in *. intros x' Hx'. apply list_elem_of_In in Hx'.
  destruct (list_elem_of_lookup_1 _ _ Hx') as (i & Hi). destruct (Forall2_lookup_r _ _ _ _ _ Hl Hi) as (x & Hx & c' & -> & _).
  destruct (Hb x) as [Hc Ho]; [by eapply list_elem_of_In, list_elem_of_lookup_2|]. split; [by rewrite clash_set_both|].
  unfold owned. rewrite !owners_set. simpl. exact Ho.
Qed.

Lemma owners_prepare_spec so mem parent child t : table_ok t -> exists t' r,
  prepare_binding_owner so mem parent child t = Some (t', r) /\ table_ok t' /\ Forall2 regrown (values t) (values t')
  /\ (r = Ok tt -> Forall (fun b => inherits parent child b = true -> len (owners b) < capacity (owners b)) (values t')).
Proof.
  intros [B1 B2 B3 B4]. unfold prepare_binding_owner. destruct (prepare_list_spec so mem parent child (values t)) as (l' & r & -> & Hl & Hr).
  eexists _, r. split; [done|]. split; [|done]. split; cbn [values].
  - unfold buf_ok, len in *. simpl. by rewrite <- (Forall2_length _ _ _ Hl).
  - intros b' Hb'. apply list_elem_of_In, list_elem_of_lookup_1 in Hb' as (i & Hi).
    destruct (Forall2_lookup_r _ _ _ _ _ Hl Hi) as (b & Hb & c & -> & Hc). rewrite owners_set.
    destruct (B2 b) as (? & ? & Hbuf); [by eapply list_elem_of_In, list_elem_of_lookup_2|]. split_and!; [done..|].
    unfold buf_ok, len in *. simpl. lia.
  - by eapply regrown_apart.
  - intros b' o o' Hb'. apply list_elem_of_In, list_elem_of_lookup_1 in Hb' as (i & Hi).
    destruct (Forall2_lookup_r _ _ _ _ _ Hl Hi) as (b & Hb & c & -> & Hc). unfold owned. rewrite owners_set.
    apply (B4 b). by eapply list_elem_of_In, list_elem_of_lookup_2.
Qed.

(** A binding after a fork. *)
Definition extended (parent child : BindingOwner) b : T :=
  if inherits parent child b then set_owners (mkIoBuffer (values (owners b) ++ [child]) (capacity (owners b))) b else b.

Lemma inherit_list_spec parent child l :
  Forall (fun b => inherits parent child b = true -> len (owners b) < capacity (owners b)) l ->
  inherit_list parent child l = Some (map (extended parent child) l).
Proof.
  induction 1 as [|b l Hb Hl IH]; [done|]. cbn [inherit_list map]. rewrite IH.
  assert (forall b', extended parent child b = b' -> Some (b' :: map (extended parent child) l) = Some (extended parent child b :: map (extended parent child) l)) as Hc by congruence.
  unfold extended at 1 in Hc. destruct (inherits parent child b) eqn:Hi; [|by apply Hc].
  destruct (push_spec child (owners b) (Hb eq_refl)) as [-> _]. by apply Hc.
Qed.

Lemma inherit_list_room parent child l l' : inherit_list parent child l = Some l' ->
  Forall (fun b => inherits parent child b = true -> len (owners b) < capacity (owners b)) l.
Proof.
  revert l'. induction l as [|b l IH]; intros l'; simpl; [constructor|]. destruct (inherits parent child b) eqn:Hi.
  - unfold push. destruct (Z.ltb_spec (len (owners b)) (capacity (owners b))); simpl; [|done].
    destruct (inherit_list parent child l) as [l1|] eqn:E; simpl; [|done]. intros _. constructor; [done|by eapply IH].
  - simpl. destruct (inherit_list parent child l) as [l1|] eqn:E; simpl; [|done]. intros _. constructor; [by rewrite Hi|by eapply IH].
Qed.

Lemma owned_extended parent child o b : owned o (extended parent child b) <-> owned o b \/ o = child /\ owned parent b.
Proof.
  unfold extended, inherits, owned. destruct (contains (owners b) parent) eqn:Hp; simpl.
  - apply contains_iff in Hp. destruct (contains (owners b) child) eqn:Hc; simpl.
    + apply contains_iff in Hc. split; [by left|]. intros [?|[-> _]]; done.
    + rewrite owners_set. simpl. rewrite elem_of_app, list_elem_of_singleton. tauto.
  - apply not_true_iff_false in Hp. rewrite contains_iff in Hp. tauto.
Qed.

Lemma clash_extended parent child (a b : T) : clash (extended parent child a) (extended parent child b) = clash a b.
Proof. unfold extended. destruct (inherits parent child a), (inherits parent child b); by rewrite ?clash_set, ?clash_set_r. Qed.

(** The child is new: it owns nothing yet. *)
Lemma inherit_spec parent child t t' : table_ok t -> owner_sock_idx child = owner_sock_idx parent -> (forall b, In b (values t) -> ~ owned child b) ->
  inherit_binding_owner parent child t = Some t' ->
  table_ok t' /\ values t' = map (extended parent child) (values t).
Proof.
  intros [B1 B2 B3 B4] Hidx Hnew. unfold inherit_binding_owner. destruct (inherit_list _ _ _) as [l|] eqn:E; [|done]. intros [= <-].
  pose proof (inherit_list_room _ _ _ _ E) as Hroom. rewrite (inherit_list_spec _ _ _ Hroom) in E. injection E as <-. cbn [values].
  split; [|done]. split; cbn [values].
  - unfold buf_ok, len in *. simpl. by rewrite length_map.
  - intros b' (b & <- & Hb)%in_map_iff. destruct (B2 b Hb) as (Hne & Hnd & Hbuf). unfold extended. destruct (inherits parent child b) eqn:Hi; [|done].
    rewrite owners_set. cbn [values capacity]. rewrite List.Forall_forall in Hroom. specialize (Hroom b Hb Hi). split_and!.
    + intros ?%app_eq_nil. tauto.
    + apply NoDup_app. split_and!; [done| |apply NoDup_singleton]. intros o Ho ->%list_elem_of_singleton. by apply (Hnew b Hb).
    + unfold buf_ok, len in *. simpl. rewrite length_app. simpl. lia.
  - assert (Forall (fun b => ~ owned child b) (values t)) as Hn by (by rewrite List.Forall_forall).
    clear -B3 Hn. induction B3 as [|a l Ha Hl IH]; simpl; [constructor|]. inversion Hn as [|? ? Hna Hnl]; subst. constructor; [|auto].
    rewrite List.Forall_forall in *. intros b' (b & <- & Hb)%in_map_iff. destruct (Ha b Hb) as [Hc Ho]. split; [by rewrite clash_extended|].
    intros o [Hoa|[-> Hpa]]%owned_extended [Hob|[He Hpb]]%owned_extended.
    + by apply (Ho o).
    + by subst.
    + by apply (Hnl b Hb).
    + by apply (Ho parent).
  - intros b' o o' (b & <- & Hb)%in_map_iff [Ho|[-> Ho]]%owned_extended [Ho'|[-> Ho']]%owned_extended; rewrite ?Hidx; by apply (B4 b).
Qed.

(** ** What others keep *)

(** A socket holds a binding with a property of its place. *)
Definition holds o (Q : T -> Prop) t : Prop := exists b, In b (values t) /\ owned o b /\ Q b.

(** [Q] says nothing of the owners. *)
Definition placed (Q : T -> Prop) : Prop := forall l b, Q (set_owners l b) <-> Q b.

Definition keeps_others (gone : BindingOwner -> Prop) t t' : Prop :=
  forall o Q, ~ gone o -> placed Q -> holds o Q t -> holds o Q t'.

Lemma keeps_others_refl gone t : keeps_others gone t t.
Proof. by intros o Q. Qed.

Lemma drop_owners_keeps keep t : keeps_others (fun o => keep o = false) t (drop_owners keep t).
Proof.
  intros o Q Hk HQ (b & Hb & Ho & Hq). apply not_false_iff_true in Hk. exists (kept keep b). split_and!.
  - apply in_drop_owners. exists b. split_and!; [done..|]. by exists o.
  - by apply owned_kept.
  - by apply HQ.
Qed.

Lemma remove_keeps pid idx t : keeps_others (eq (mkOwner pid idx)) t (remove_binding_owner pid idx t).
Proof.
  intros o Q Ho. apply (drop_owners_keeps (fun o => negb (owner_pid o =? pid) || negb (owner_sock_idx o =? idx))).
  rewrite not_false_iff_true. apply keep_other. by apply not_eq_sym.
Qed.

Lemma registered_keeps me port same mk t t' r : registered me port same mk t t' r -> keeps_others (eq me) t t'.
Proof.
  destruct r as [[]|e]; [|intros [-> _]; apply keeps_others_refl]. intros (_ & [[-> _]|(_ & own & _ & Ht)]); [apply keeps_others_refl|].
  intros o Q Ho HQ Hh. destruct me as [pid idx]. destruct (remove_keeps pid idx t o Q Ho HQ Hh) as (b & Hb & ? & ?).
  exists b. split; [|done]. rewrite Ht. apply in_app_iff. by left.
Qed.

Lemma regrown_keeps t t' : Forall2 regrown (values t) (values t') -> keeps_others (fun _ => False) t t'.
Proof.
  intros Hl o Q _ HQ (b & Hb & Ho & Hq). apply list_elem_of_In, list_elem_of_lookup_1 in Hb as (i & Hi).
  destruct (Forall2_lookup_l _ _ _ _ _ Hl Hi) as (b' & Hi' & c & -> & _). eexists. split_and!.
  - by eapply list_elem_of_In, list_elem_of_lookup_2.
  - unfold owned. by rewrite owners_set.
  - by apply HQ.
Qed.

Lemma extended_keeps parent child t t' : values t' = map (extended parent child) (values t) -> keeps_others (fun _ => False) t t'.
Proof.
  intros Ht o Q _ HQ (b & Hb & Ho & Hq). exists (extended parent child b). split_and!.
  - rewrite Ht. by apply in_map.
  - apply owned_extended. by left.
  - unfold extended. destruct (inherits parent child b); [by apply HQ|done].
Qed.

(** A place that somebody else holds is refused. *)
Lemma registered_refused me port same mk t t' r o : registered me port same mk t t' r -> port <> 0 -> o <> me ->
  holds o (fun b => clash b (mk new) = true) t -> (forall b, In b (values t) -> same b = true -> ~ owned me b) ->
  t' = t /\ r = Err EADDRINUSE.
Proof.
  intros Hr Hport Hne (b & Hb & Ho & Hc) Hsame.
  assert (values (owners b) <> [me]) as Hme.
  { intros E. unfold owned in Ho. rewrite E in Ho. by apply list_elem_of_singleton in Ho. }
  destruct r as [[]|e]; simpl in Hr.
  - destruct Hr as (_ & [(_ & b' & Hb' & Hs & Ho')|(Hclash & _)]); [by destruct (Hsame b' Hb' Hs)|]. by destruct Hme; apply Hclash.
  - destruct Hr as (-> & _ & _ & He). split; [done|]. f_equal. apply He; [done|by exists b|done].
Qed.
End Table.

(** ** The four registrations *)

Lemma forallb_ext {A} (p q : A -> bool) l : (forall x, p x = q x) -> forallb p l = forallb q l.
Proof. intros Hpq. induction l as [|x l IH]; simpl; [done|]. by rewrite Hpq, IH. Qed.

Lemma existsb_ext {A} (p q : A -> bool) l : (forall x, p x = q x) -> existsb p l = existsb q l.
Proof. intros Hpq. induction l as [|x l IH]; simpl; [done|]. by rewrite Hpq, IH. Qed.

Definition same_udp (addr : list Z) (port : Z) (reuse : bool) (b : UdpBinding) : bool :=
  bool_decide (udp_addr b = addr) && (udp_port b =? port) && Bool.eqb (udp_reuse_addr b) reuse.
Definition same_udp6 (addr : list Z) (port : Z) (reuse : bool) (b : Udp6Binding) : bool :=
  bool_decide (udp6_addr b = addr) && (udp6_port b =? port) && Bool.eqb (udp6_reuse_addr b) reuse.
Definition same_tcp (addr : list Z) (port : Z) (b : TcpBinding) : bool := bool_decide (tcp_addr b = addr) && (tcp_port b =? port).
Definition same_tcp6 (addr : list Z) (port : Z) (b : Tcp6Binding) : bool := bool_decide (tcp6_addr b = addr) && (tcp6_port b =? port).

Lemma udp_can_bind_clash pid idx addr port reuse t own : udp_can_bind pid idx addr port reuse t
  = forallb (fun b => sole_owner pid idx b || negb (clash b (mkUdp own addr port reuse))) (values t).
Proof. apply forallb_ext. intros b. simpl. by destruct (sole_owner pid idx b). Qed.
Lemma udp6_can_bind_clash pid idx addr port reuse t own : udp6_can_bind pid idx addr port reuse t
  = forallb (fun b => sole_owner pid idx b || negb (clash b (mkUdp6 own addr port reuse))) (values t).
Proof. apply forallb_ext. intros b. simpl. by destruct (sole_owner pid idx b), (udp6_port b =? port), (udp6_addr_conflicts _ _), (udp6_reuse_addr b), reuse. Qed.
Lemma tcp_can_bind_clash pid idx addr port t own : tcp_can_bind pid idx addr port t
  = forallb (fun b => sole_owner pid idx b || negb (clash b (mkTcp own addr port))) (values t).
Proof. apply forallb_ext. intros b. simpl. by destruct (sole_owner pid idx b). Qed.
Lemma tcp6_can_bind_clash pid idx addr port t own : tcp6_can_bind pid idx addr port t
  = forallb (fun b => sole_owner pid idx b || negb (clash b (mkTcp6 own addr port))) (values t).
Proof. apply forallb_ext. intros b. simpl. by rewrite !negb_andb, !orb_assoc. Qed.

Lemma udp_register_with so sb mem pid idx addr port reuse t : udp_register so sb mem pid idx addr port reuse t
  = register_with so sb mem pid idx port (same_udp addr port reuse) (fun l => mkUdp l addr port reuse) t.
Proof. unfold udp_register, register_with. by rewrite (udp_can_bind_clash _ _ _ _ _ _ new). Qed.
Lemma udp6_register_with so sb mem pid idx addr port reuse t : udp6_register so sb mem pid idx addr port reuse t
  = register_with so sb mem pid idx port (same_udp6 addr port reuse) (fun l => mkUdp6 l addr port reuse) t.
Proof. unfold udp6_register, register_with. by rewrite (udp6_can_bind_clash _ _ _ _ _ _ new). Qed.
Lemma tcp_register_with so sb mem pid idx addr port t : tcp_register so sb mem pid idx addr port t
  = register_with so sb mem pid idx port (same_tcp addr port) (fun l => mkTcp l addr port) t.
Proof. unfold tcp_register, register_with. by rewrite (tcp_can_bind_clash _ _ _ _ _ new). Qed.
Lemma tcp6_register_with so sb mem pid idx addr port t : tcp6_register so sb mem pid idx addr port t
  = register_with so sb mem pid idx port (same_tcp6 addr port) (fun l => mkTcp6 l addr port) t.
Proof. unfold tcp6_register, register_with. by rewrite (tcp6_can_bind_clash _ _ _ _ _ new). Qed.

Lemma udp_register_spec so sb mem pid idx addr port reuse t : table_ok t ->
  exists t' r, udp_register so sb mem pid idx addr port reuse t = Some (t', r) /\ table_ok t'
    /\ registered (mkOwner pid idx) port (same_udp addr port reuse) (fun l => mkUdp l addr port reuse) t t' r.
Proof. rewrite udp_register_with. intros Hok. by apply register_with_spec. Qed.
Lemma udp6_register_spec so sb mem pid idx addr port reuse t : table_ok t ->
  exists t' r, udp6_register so sb mem pid idx addr port reuse t = Some (t', r) /\ table_ok t'
    /\ registered (mkOwner pid idx) port (same_udp6 addr port reuse) (fun l => mkUdp6 l addr port reuse) t t' r.
Proof. rewrite udp6_register_with. intros Hok. by apply register_with_spec. Qed.
Lemma tcp_register_spec so sb mem pid idx addr port t : table_ok t ->
  exists t' r, tcp_register so sb mem pid idx addr port t = Some (t', r) /\ table_ok t'
    /\ registered (mkOwner pid idx) port (same_tcp addr port) (fun l => mkTcp l addr port) t t' r.
Proof. rewrite tcp_register_with. intros Hok. by apply register_with_spec. Qed.
Lemma tcp6_register_spec so sb mem pid idx addr port t : table_ok t ->
  exists t' r, tcp6_register so sb mem pid idx addr port t = Some (t', r) /\ table_ok t'
    /\ registered (mkOwner pid idx) port (same_tcp6 addr port) (fun l => mkTcp6 l addr port) t t' r.
Proof. rewrite tcp6_register_with. intros Hok. by apply register_with_spec. Qed.
