(* ===== verification/BindThms.v ===== *)
(** * Port bindings: theorems

    Runs of the kernel over its four binding tables, and what they guarantee:
    exclusive ports, ports held until their last owner goes, forks that cannot
    fail halfway, and delivery targets. *)

From S2P Require Import Prelude IoBuffer Bindings BindInv.

Record BindSizes : Type := mkBindSizes { sz_owner : Z; sz_udp : Z; sz_udp6 : Z; sz_tcp : Z; sz_tcp6 : Z }.

(** The calls the kernel makes. *)
Inductive InetCall : Type :=
  | UdpRegister (mem : BindMemory) (pid idx : Z) (addr : list Z) (port : Z) (reuse : bool)
  | Udp6Register (mem : BindMemory) (pid idx : Z) (addr : list Z) (port : Z) (reuse : bool)
  | TcpRegister (mem : BindMemory) (pid idx : Z) (addr : list Z) (port : Z)
  | Tcp6Register (mem : BindMemory) (pid idx : Z) (addr : list Z) (port : Z)
  | UdpUnregister (pid idx : Z) | Udp6Unregister (pid idx : Z) | TcpUnregister (pid idx : Z) | Tcp6Unregister (pid idx : Z)
  | UdpCleanup (pid : Z) | Udp6Cleanup (pid : Z) | TcpCleanup (pid : Z) | Tcp6Cleanup (pid : Z)
  | PrepareOwners (mem : InheritMemory) (parent child idx : Z)
  | PublishOwners (parent child idx : Z).

Definition inet_call (z : BindSizes) (c : InetCall) : op BindingTables unit :=
  match c with
  | UdpRegister mem pid idx addr port reuse => on_udp (udp_register (sz_owner z) (sz_udp z) mem pid idx addr port reuse)
  | Udp6Register mem pid idx addr port reuse => on_udp6 (udp6_register (sz_owner z) (sz_udp6 z) mem pid idx addr port reuse)
  | TcpRegister mem pid idx addr port => on_tcp (tcp_register (sz_owner z) (sz_tcp z) mem pid idx addr port)
  | Tcp6Register mem pid idx addr port => on_tcp6 (tcp6_register (sz_owner z) (sz_tcp6 z) mem pid idx addr port)
  | UdpUnregister pid idx => on_udp (op_modify (udp_unregister pid idx))
  | Udp6Unregister pid idx => on_udp6 (op_modify (udp6_unregister pid idx))
  | TcpUnregister pid idx => on_tcp (op_modify (tcp_unregister pid idx))
  | Tcp6Unregister pid idx => on_tcp6 (op_modify (tcp6_unregister pid idx))
  | UdpCleanup pid => on_udp (op_modify (udp_cleanup_process pid))
  | Udp6Cleanup pid => on_udp6 (op_modify (udp6_cleanup_process pid))
  | TcpCleanup pid => on_tcp (op_modify (tcp_cleanup_process pid))
  | Tcp6Cleanup pid => on_tcp6 (op_modify (tcp6_cleanup_process pid))
  | PrepareOwners mem parent child idx => prepare_inet_binding_owners (sz_owner z) mem parent child idx
  | PublishOwners parent child idx => fun B =>
      match publish_inet_binding_owners parent child idx B with
      | Some B' => Some (B', Ok tt)
      | None => None
      end
  end.

Definition unowned {T} `{HasBindingOwners T} (o : BindingOwner) (t : IoBuffer T) : Prop :=
  forall b, In b (values t) -> o ∉ values (owners b).

Definition owns_nothing (o : BindingOwner) (B : BindingTables) : Prop :=
  unowned o (udp_bindings B) /\ unowned o (udp6_bindings B) /\ unowned o (tcp_bindings B) /\ unowned o (tcp6_bindings B).

(** A child gets a new process id, under which nothing is bound yet. *)
Definition child_is_new (c : InetCall) (B : BindingTables) : Prop :=
  match c with PublishOwners _ child idx => owns_nothing (mkOwner child idx) B | _ => True end.

Inductive inet_run (z : BindSizes) : BindingTables -> list InetCall -> BindingTables -> Prop :=
  | run_nil B : inet_run z B [] B
  | run_call B c B1 r calls B2 : child_is_new c B -> inet_call z c B = Some (B1, r) -> inet_run z B1 calls B2 ->
      inet_run z B (c :: calls) B2.

Record tables_ok (B : BindingTables) : Prop := {
  ok_udp : table_ok (udp_bindings B); ok_udp6 : table_ok (udp6_bindings B);
  ok_tcp : table_ok (tcp_bindings B); ok_tcp6 : table_ok (tcp6_bindings B);
}.

(** A call made for a socket, or for its process. *)
Definition acts_for (c : InetCall) (o : BindingOwner) : Prop :=
  match c with
  | UdpRegister _ pid idx _ _ _ | Udp6Register _ pid idx _ _ _ | TcpRegister _ pid idx _ _ | Tcp6Register _ pid idx _ _
  | UdpUnregister pid idx | Udp6Unregister pid idx | TcpUnregister pid idx | Tcp6Unregister pid idx => mkOwner pid idx = o
  | UdpCleanup pid | Udp6Cleanup pid | TcpCleanup pid | Tcp6Cleanup pid => owner_pid o = pid
  | PrepareOwners _ _ _ _ | PublishOwners _ _ _ => False
  end.

(** Every table keeps what the sockets outside of [gone] hold. *)
Definition all_keep (gone : BindingOwner -> Prop) (B B' : BindingTables) : Prop :=
  keeps_others gone (udp_bindings B) (udp_bindings B') /\ keeps_others gone (udp6_bindings B) (udp6_bindings B')
  /\ keeps_others gone (tcp_bindings B) (tcp_bindings B') /\ keeps_others gone (tcp6_bindings B) (tcp6_bindings B').

Lemma cleanup_keeps {T} `{PortTable T} pid (t : IoBuffer T) : keeps_others (fun o => owner_pid o = pid) t (cleanup_binding_owner_pid pid t).
Proof.
  intros o Q Ho. apply (drop_owners_keeps (fun o => negb (owner_pid o =? pid))). rewrite negb_false_iff. by rewrite Z.eqb_eq.
Qed.

Lemma prepare_inet_spec so mem parent child idx B : tables_ok B ->
  exists B' r, prepare_inet_binding_owners so mem parent child idx B = Some (B', r) /\ tables_ok B'
    /\ Forall2 regrown (values (udp_bindings B)) (values (udp_bindings B'))
    /\ Forall2 regrown (values (udp6_bindings B)) (values (udp6_bindings B'))
    /\ Forall2 regrown (values (tcp_bindings B)) (values (tcp_bindings B'))
    /\ Forall2 regrown (values (tcp6_bindings B)) (values (tcp6_bindings B'))
    /\ (r = Ok tt -> is_Some (publish_inet_binding_owners parent child idx B')).
Proof.
  intros [K1 K2 K3 K4]. unfold prepare_inet_binding_owners, op_bind, on_udp, on_udp6, on_tcp, on_tcp6. set (p := mkOwner parent idx). set (c := mkOwner child idx).
  destruct (owners_prepare_spec so (udp_mem mem) p c _ K1) as (t1 & [[]|e] & -> & L1 & G1 & R1); [|by eexists _, (Err e); split; [done|]; split; [by split|]; split_and!; try done; apply regrown_list].
  cbn [udp_bindings udp6_bindings tcp_bindings tcp6_bindings].
  destruct (owners_prepare_spec so (udp6_mem mem) p c _ K2) as (t2 & [[]|e] & -> & L2 & G2 & R2); [|by eexists _, (Err e); split; [done|]; split; [by split|]; split_and!; try done; apply regrown_list].
  cbn [udp_bindings udp6_bindings tcp_bindings tcp6_bindings].
  destruct (owners_prepare_spec so (tcp_mem mem) p c _ K3) as (t3 & [[]|e] & -> & L3 & G3 & R3); [|by eexists _, (Err e); split; [done|]; split; [by split|]; split_and!; try done; apply regrown_list].
  cbn [udp_bindings udp6_bindings tcp_bindings tcp6_bindings].
  destruct (owners_prepare_spec so (tcp6_mem mem) p c _ K4) as (t4 & [[]|e] & -> & L4 & G4 & R4); [|by eexists _, (Err e); split; [done|]; split; [by split|]; split_and!; try done; apply regrown_list].
  eexists _, (Ok tt). split; [done|]. split; [by split|]. split_and!; [done..|]. intros _.
  unfold publish_inet_binding_owners, inherit_binding_owner. cbn [udp_bindings udp6_bindings tcp_bindings tcp6_bindings]. fold p c.
  rewrite (inherit_list_spec p c _ (R1 eq_refl)), (inherit_list_spec p c _ (R2 eq_refl)), (inherit_list_spec p c _ (R3 eq_refl)),
    (inherit_list_spec p c _ (R4 eq_refl)). by eexists.
Qed.

Lemma publish_inet_spec parent child idx B B' : tables_ok B -> owns_nothing (mkOwner child idx) B ->
  publish_inet_binding_owners parent child idx B = Some B' -> let ext {T} `{PortTable T} := extended (T := T) (mkOwner parent idx) (mkOwner child idx) in
  tables_ok B' /\ values (udp_bindings B') = map ext (values (udp_bindings B)) /\ values (udp6_bindings B') = map ext (values (udp6_bindings B))
  /\ values (tcp_bindings B') = map ext (values (tcp_bindings B)) /\ values (tcp6_bindings B') = map ext (values (tcp6_bindings B)).
Proof.
  intros [K1 K2 K3 K4] (N1 & N2 & N3 & N4). unfold publish_inet_binding_owners.
  destruct (inherit_binding_owner _ _ (udp_bindings B)) as [t1|] eqn:E1; [|done].
  destruct (inherit_binding_owner _ _ (udp6_bindings B)) as [t2|] eqn:E2; [|done].
  destruct (inherit_binding_owner _ _ (tcp_bindings B)) as [t3|] eqn:E3; [|done].
  destruct (inherit_binding_owner _ _ (tcp6_bindings B)) as [t4|] eqn:E4; [|done]. intros [= <-].
  pose proof (fun T h (P : @PortTable T h) => @inherit_spec T h P (mkOwner parent idx) (mkOwner child idx)) as Hspec.
  destruct (Hspec _ _ _ _ _ K1 eq_refl N1 E1), (Hspec _ _ _ _ _ K2 eq_refl N2 E2), (Hspec _ _ _ _ _ K3 eq_refl N3 E3),
    (Hspec _ _ _ _ _ K4 eq_refl N4 E4). by split.
Qed.

Lemma keeps_others_mono {T} `{PortTable T} (P Q : BindingOwner -> Prop) (t t' : IoBuffer T) :
  (forall o, P o -> Q o) -> keeps_others P t t' -> keeps_others Q t t'.
Proof. intros HPQ Hk o R Ho. apply Hk. auto. Qed.

(** Every call keeps the invariant and what other sockets hold. *)
Lemma inet_call_spec z c B B' r : tables_ok B -> child_is_new c B -> inet_call z c B = Some (B', r) ->
  tables_ok B' /\ all_keep (acts_for c) B B'.
Proof.
  intros Hok Hnew Hrun. pose proof Hok as [K1 K2 K3 K4]. unfold all_keep. destruct c; cbn [inet_call acts_for child_is_new] in *;
    unfold on_udp, on_udp6, on_tcp, on_tcp6, op_modify in Hrun.
  1: destruct (udp_register_spec (sz_owner z) (sz_udp z) mem pid idx addr port reuse _ K1) as (t' & r' & E & Hok' & Hr).
  2: destruct (udp6_register_spec (sz_owner z) (sz_udp6 z) mem pid idx addr port reuse _ K2) as (t' & r' & E & Hok' & Hr).
  3: destruct (tcp_register_spec (sz_owner z) (sz_tcp z) mem pid idx addr port _ K3) as (t' & r' & E & Hok' & Hr).
  4: destruct (tcp6_register_spec (sz_owner z) (sz_tcp6 z) mem pid idx addr port _ K4) as (t' & r' & E & Hok' & Hr).
  1-4: rewrite E in Hrun; injection Hrun as <- _; apply registered_keeps in Hr;
    (split; [by split|]); split_and!; try apply keeps_others_refl; done.
  1-8: injection Hrun as <- _; (split; [split; cbn [udp_bindings udp6_bindings tcp_bindings tcp6_bindings]; first [done|by apply drop_owners_ok]|]);
    cbn [udp_bindings udp6_bindings tcp_bindings tcp6_bindings];
    split_and!; first [apply keeps_others_refl|apply remove_keeps|apply cleanup_keeps].
  - destruct (prepare_inet_spec (sz_owner z) mem parent child idx B Hok) as (B1 & r1 & E & Hok1 & G1 & G2 & G3 & G4 & _).
    rewrite E in Hrun. injection Hrun as <- _. split; [done|]. split_and!; by apply regrown_keeps.
  - destruct (publish_inet_binding_owners parent child idx B) as [B1|] eqn:E; [|done]. injection Hrun as <- _.
    destruct (publish_inet_spec _ _ _ _ _ Hok Hnew E) as (Hok1 & V1 & V2 & V3 & V4). split; [done|]. split_and!; by eapply extended_keeps.
Qed.

Lemma inet_run_ok z B calls B' : tables_ok B -> inet_run z B calls B' -> tables_ok B'.
Proof. intros Hok H. induction H; [done|]. apply IHinet_run. by eapply inet_call_spec. Qed.

Lemma no_bindings_ok : tables_ok no_bindings.
Proof. split; apply new_ok. Qed.

Lemma inet_reachable_ok z calls B : inet_run z no_bindings calls B -> tables_ok B.
Proof. apply inet_run_ok, no_bindings_ok. Qed.

Lemma all_keep_trans P B1 B2 B3 : all_keep P B1 B2 -> all_keep P B2 B3 -> all_keep P B1 B3.
Proof. intros (A1 & A2 & A3 & A4) (C1 & C2 & C3 & C4). split_and!; intros o Q Ho HQ Hh; eauto. Qed.

Lemma inet_run_keeps z B calls B' o : tables_ok B -> inet_run z B calls B' -> (forall c, In c calls -> ~ acts_for c o) ->
  all_keep (fun o' => o' <> o) B B'.
Proof.
  intros Hok H. induction H as [B|B c B1 r calls B2 Hnew Hc Hrun IH]; intros Hall; [split_and!; apply keeps_others_refl|].
  destruct (inet_call_spec _ _ _ _ _ Hok Hnew Hc) as [Hok1 (A1 & A2 & A3 & A4)].
  eapply all_keep_trans; [|apply IH; [done|intros c' Hc'; apply Hall; by right]].
  specialize (Hall c (or_introl eq_refl)). split_and!; (eapply keeps_others_mono; [|eassumption]); intros o' Ha ->; done.
Qed.

(** ** Theorems *)

Lemma table_pair {T} `{PortTable T} (t : IoBuffer T) i j a b : table_ok t -> i <> j ->
  values t !! i = Some a -> values t !! j = Some b -> clash a b = false.
Proof. intros Hok Hne Ha Hb. by destruct (pairs_lookup apart _ i j a b (tok_apart _ Hok) apart_sym Ha Hb Hne). Qed.

(** At most one binding of a table has a given owner. *)
Definition one_binding_each {T} `{HasBindingOwners T} (t : IoBuffer T) : Prop :=
  forall i j a b o, values t !! i = Some a -> values t !! j = Some b -> o ∈ values (owners a) -> o ∈ values (owners b) -> i = j.

Lemma table_one_binding {T} `{PortTable T} (t : IoBuffer T) : table_ok t -> one_binding_each t.
Proof.
  intros Hok i j a b o Ha Hb Hoa Hob. destruct (decide (i = j)) as [|Hne]; [done|]. exfalso.
  destruct (pairs_lookup apart _ i j a b (tok_apart _ Hok) apart_sym Ha Hb Hne) as [_ Hd]. by apply (Hd o).
Qed.

(** Ports are exclusive. However sockets of several processes are bound,
    closed, inherited and cleaned up, two TCP bindings of one port never have
    conflicting addresses, two UDP bindings that do were both made with
    SO_REUSEADDR, no binding is left without an owner, and a socket owns at
    most one binding of a table. *)
Theorem ports_exclusive z calls B : inet_run z no_bindings calls B ->
  (forall i j a b, i <> j -> values (tcp_bindings B) !! i = Some a -> values (tcp_bindings B) !! j = Some b ->
     tcp_port a = tcp_port b -> tcp_addr_conflicts (tcp_addr a) (tcp_addr b) = false)
  /\ (forall i j a b, i <> j -> values (tcp6_bindings B) !! i = Some a -> values (tcp6_bindings B) !! j = Some b ->
     tcp6_port a = tcp6_port b -> tcp6_addr_conflicts (tcp6_addr a) (tcp6_addr b) = false)
  /\ (forall i j a b, i <> j -> values (udp_bindings B) !! i = Some a -> values (udp_bindings B) !! j = Some b ->
     udp_port a = udp_port b -> udp_addr_conflicts (udp_addr a) (udp_addr b) = true -> udp_reuse_addr a = true /\ udp_reuse_addr b = true)
  /\ (forall i j a b, i <> j -> values (udp6_bindings B) !! i = Some a -> values (udp6_bindings B) !! j = Some b ->
     udp6_port a = udp6_port b -> udp6_addr_conflicts (udp6_addr a) (udp6_addr b) = true -> udp6_reuse_addr a = true /\ udp6_reuse_addr b = true)
  /\ one_binding_each (udp_bindings B) /\ one_binding_each (udp6_bindings B)
  /\ one_binding_each (tcp_bindings B) /\ one_binding_each (tcp6_bindings B)
  /\ (forall b, In b (values (udp_bindings B)) -> values (udp_owners b) <> [])
  /\ (forall b, In b (values (tcp_bindings B)) -> values (tcp_owners b) <> []).
Proof.
  intros [K1 K2 K3 K4]%inet_reachable_ok. split_and!.
  - intros i j a b Hne Ha Hb Hp. pose proof (table_pair _ _ _ _ _ K3 Hne Ha Hb) as Hc. simpl in Hc. by rewrite Hp, Z.eqb_refl in Hc.
  - intros i j a b Hne Ha Hb Hp. pose proof (table_pair _ _ _ _ _ K4 Hne Ha Hb) as Hc. simpl in Hc. by rewrite Hp, Z.eqb_refl in Hc.
  - intros i j a b Hne Ha Hb Hp Hx. pose proof (table_pair _ _ _ _ _ K1 Hne Ha Hb) as Hc. simpl in Hc.
    rewrite Hp, Z.eqb_refl, Hx in Hc. by apply negb_false_iff, andb_true_iff in Hc.
  - intros i j a b Hne Ha Hb Hp Hx. pose proof (table_pair _ _ _ _ _ K2 Hne Ha Hb) as Hc. simpl in Hc.
    rewrite Hp, Z.eqb_refl, Hx in Hc. by apply negb_false_iff, andb_true_iff in Hc.
  - by apply table_one_binding.
  - by apply table_one_binding.
  - by apply table_one_binding.
  - by apply table_one_binding.
  - intros b Hb. apply (tok_owners _ K1 b Hb).
  - intros b Hb. apply (tok_owners _ K3 b Hb).
Qed.

(** A port is held until its last owner lets go. Once a socket holds a place,
    alone or with the processes that inherited it, calls for other sockets,
    closes and exits of co-owners and forks included, leave it in possession,
    and a registration of another socket at a conflicting address fails with
    EADDRINUSE and changes nothing, unless that socket has that very binding
    itself or, for UDP, both asked for SO_REUSEADDR. *)
Theorem port_held_until_released z calls0 B calls B' o : inet_run z no_bindings calls0 B -> inet_run z B calls B' ->
  (forall c, In c calls -> ~ acts_for c o) ->
  (forall addr port, port <> 0 -> (exists b, In b (values (tcp_bindings B)) /\ o ∈ values (tcp_owners b) /\ tcp_addr b = addr /\ tcp_port b = port) ->
     (exists b, In b (values (tcp_bindings B')) /\ o ∈ values (tcp_owners b) /\ tcp_addr b = addr /\ tcp_port b = port)
     /\ forall mem pid idx addr', mkOwner pid idx <> o -> tcp_addr_conflicts addr addr' = true ->
          (forall b, In b (values (tcp_bindings B')) -> tcp_addr b = addr' -> tcp_port b = port -> mkOwner pid idx ∉ values (tcp_owners b)) ->
          tcp_register (sz_owner z) (sz_tcp z) mem pid idx addr' port (tcp_bindings B') = Some (tcp_bindings B', Err EADDRINUSE))
  /\ (forall addr port reuse, port <> 0 ->
       (exists b, In b (values (udp_bindings B)) /\ o ∈ values (udp_owners b) /\ udp_addr b = addr /\ udp_port b = port /\ udp_reuse_addr b = reuse) ->
     (exists b, In b (values (udp_bindings B')) /\ o ∈ values (udp_owners b) /\ udp_addr b = addr /\ udp_port b = port /\ udp_reuse_addr b = reuse)
     /\ forall mem pid idx addr' reuse', mkOwner pid idx <> o -> udp_addr_conflicts addr addr' = true -> reuse && reuse' = false ->
          (forall b, In b (values (udp_bindings B')) -> udp_addr b = addr' -> udp_port b = port -> mkOwner pid idx ∉ values (udp_owners b)) ->
          udp_register (sz_owner z) (sz_udp z) mem pid idx addr' port reuse' (udp_bindings B') = Some (udp_bindings B', Err EADDRINUSE)).
Proof.
  intros HB%inet_reachable_ok Hrun Hothers. pose proof (inet_run_ok _ _ _ _ HB Hrun) as [K1 K2 K3 K4].
  destruct (inet_run_keeps _ _ _ _ o HB Hrun Hothers) as (A1 & _ & A3 & _). split.
  - intros addr port Hport Hheld.
    assert (holds o (fun b => tcp_addr b = addr /\ tcp_port b = port) (tcp_bindings B')) as Hh by (apply A3; [tauto|done|done]).
    split; [exact Hh|]. intros mem pid idx addr' Hne Hx Hnot.
    destruct (tcp_register_spec (sz_owner z) (sz_tcp z) mem pid idx addr' port _ K3) as (t' & r & -> & _ & Hr).
    destruct (registered_refused _ _ _ _ _ _ _ o Hr Hport (not_eq_sym Hne)) as [-> ->]; [| |done].
    + destruct Hh as (b & Hb & Ho & Ha & Hp). exists b. split_and!; [done..|]. simpl. by rewrite Hp, Z.eqb_refl, Ha, Hx.
    + intros b Hb [Ha Hp]%andb_true_iff. apply bool_decide_eq_true in Ha. apply Z.eqb_eq in Hp. by apply Hnot.
  - intros addr port reuse Hport Hheld.
    assert (holds o (fun b => udp_addr b = addr /\ udp_port b = port /\ udp_reuse_addr b = reuse) (udp_bindings B')) as Hh by (apply A1; [tauto|done|done]).
    split; [exact Hh|]. intros mem pid idx addr' reuse' Hne Hx Hreuse Hnot.
    destruct (udp_register_spec (sz_owner z) (sz_udp z) mem pid idx addr' port reuse' _ K1) as (t' & r & -> & _ & Hr).
    destruct (registered_refused _ _ _ _ _ _ _ o Hr Hport (not_eq_sym Hne)) as [-> ->]; [| |done].
    + destruct Hh as (b & Hb & Ho & Ha & Hp & Hre). exists b. split_and!; [done..|]. simpl. by rewrite Hp, Z.eqb_refl, Ha, Hx, Hre, Hreuse.
    + intros b Hb [[Ha Hp]%andb_true_iff _]%andb_true_iff. apply bool_decide_eq_true in Ha. apply Z.eqb_eq in Hp. by apply Hnot.
Qed.

(** ** Delivery targets *)

(** What a consumer of the iterator sees. *)
Fixpoint collect (fuel : nat) (t : IoBuffer UdpBinding) (it : UdpEndpoints) : list UdpEndpoint :=
  match fuel with
  | O => []
  | S fuel => match next t it with (it', Some e) => e :: collect fuel t it' | (_, None) => [] end
  end.

(** What is still to come from the bindings [rest]. *)
Fixpoint remaining (dst : list Z) (port : Z) (skip : nat) (rest : list UdpBinding) : list UdpEndpoint :=
  match rest with
  | [] => []
  | b :: rest =>
      (if (udp_port b =? port) && udp_addr_matches (udp_addr b) dst
       then map (endpoint b) (drop skip (values (udp_owners b))) else [])
      ++ remaining dst port 0 rest
  end.

Lemma next_loop_spec l it : match next_loop it (drop (binding_index it) l) with
  | (it', Some e) => remaining (it_addr it) (it_port it) (owner_index it) (drop (binding_index it) l)
       = e :: remaining (it_addr it') (it_port it') (owner_index it') (drop (binding_index it') l) /\ it_addr it' = it_addr it /\ it_port it' = it_port it
  | (_, None) => remaining (it_addr it) (it_port it) (owner_index it) (drop (binding_index it) l) = []
  end.
Proof.
  remember (drop (binding_index it) l) as rest eqn:Hrest. revert it Hrest. induction rest as [|b rest IH]; intros it Hrest; [done|].
  assert (drop (S (binding_index it)) l = rest) as Hnext.
  { rewrite <- Nat.add_1_r, <- drop_drop, <- Hrest. done. }
  cbn [next_loop remaining].
  specialize (IH (mkEndpoints (it_addr it) (it_port it) (S (binding_index it)) 0) (eq_sym Hnext)). cbn [owner_index it_addr it_port] in IH.
  destruct ((udp_port b =? it_port it) && udp_addr_matches (udp_addr b) (it_addr it)) eqn:Hm; [|exact IH].
  destruct (values (udp_owners b) !! owner_index it) as [o|] eqn:Ho.
  - cbn [binding_index owner_index it_addr it_port]. rewrite <- Hrest. split; [|done]. cbn [remaining it_addr it_port]. rewrite Hm.
    by rewrite (drop_S _ _ _ Ho).
  - rewrite (drop_ge (values (udp_owners b))) by (by apply lookup_ge_None_1). exact IH.
Qed.

Lemma collect_remaining t it fuel : (length (remaining (it_addr it) (it_port it) (owner_index it) (drop (binding_index it) (values t))) <= fuel)%nat ->
  collect fuel t it = remaining (it_addr it) (it_port it) (owner_index it) (drop (binding_index it) (values t)).
Proof.
  revert it. induction fuel as [|fuel IH]; intros it Hf; cbn [collect].
  - by destruct (remaining _ _ _ _); [|simpl in Hf; lia].
  - unfold next. pose proof (next_loop_spec (values t) it) as Hn. destruct (next_loop it _) as [it' [e|]]; [|done].
    destruct Hn as (Hr & _). rewrite Hr in *. simpl in Hf. f_equal. apply IH. lia.
Qed.

Lemma remaining_lookup dst port l : remaining dst port 0 l
  = flat_map (fun b => map (endpoint b) (values (udp_owners b)))
      (List.filter (fun b => (udp_port b =? port) && udp_addr_matches (udp_addr b) dst) l).
Proof. induction l as [|b l IH]; simpl; [done|]. rewrite IH. by destruct (_ && _). Qed.

Lemma targets_distinct l dst port : ForallOrdPairs apart l -> Forall (fun b => NoDup (values (udp_owners b))) l ->
  List.NoDup (map (fun e => mkOwner (ep_pid e) (ep_sock_idx e))
    (flat_map (fun b => map (endpoint b) (values (udp_owners b)))
       (List.filter (fun b => (udp_port b =? port) && udp_addr_matches (udp_addr b) dst) l))).
Proof.
  intros Hp. induction Hp as [|a l Ha Hl IH]; intros Hnd; simpl; [constructor|]. inversion Hnd as [|? ? Hna Hnl]; subst. specialize (IH Hnl).
  destruct (_ && _); [|done]. simpl. rewrite map_app, map_map. simpl.
  assert (map (fun o => mkOwner (owner_pid o) (owner_sock_idx o)) (values (udp_owners a)) = values (udp_owners a)) as ->.
  { erewrite map_ext; [apply map_id|]. by intros []. }
  apply NoDup_ListNoDup, NoDup_app. split_and!; [done| |by apply NoDup_ListNoDup].
  intros o Ho. rewrite list_elem_of_In, in_map_iff. intros (e & He & Hin). apply in_flat_map in Hin as (b & Hb & Hin).
  apply filter_In in Hb as [Hb _]. apply in_map_iff in Hin as (o' & <- & Ho'). rewrite List.Forall_forall in Ha.
  destruct (Ha b Hb) as [_ Hd]. apply (Hd o Ho). unfold owned. simpl in *. destruct o' as [p i]. simpl in He. subst o.
  by apply list_elem_of_In.
Qed.

(** The allocation-free iterator over the targets of a datagram is the filter
    and flat map it stands for: it ends, it returns exactly the owners of the
    bindings that match the destination, in table order, and in every
    reachable state no socket more than once. *)
Theorem datagram_targets_exact z calls B dst port fuel : inet_run z no_bindings calls B ->
  let targets := udp_lookup (udp_bindings B) dst port in
  (length targets <= fuel)%nat ->
  collect fuel (udp_bindings B) (udp_endpoints dst port) = targets
  /\ (forall o, In o (map (fun e => mkOwner (ep_pid e) (ep_sock_idx e)) targets) <->
        exists b, In b (values (udp_bindings B)) /\ o ∈ values (udp_owners b) /\ udp_port b = port /\ (udp_addr b = any4 \/ udp_addr b = dst))
  /\ List.NoDup (map (fun e => mkOwner (ep_pid e) (ep_sock_idx e)) targets).
Proof.
  intros [K1 _ _ _]%inet_reachable_ok targets Hf.
  assert (targets = remaining dst port 0 (values (udp_bindings B))) as Ht by (unfold targets; by rewrite remaining_lookup).
  split_and!.
  - rewrite Ht in *. rewrite collect_remaining; done.
  - intros o. unfold targets, udp_lookup. rewrite in_map_iff. split.
    + intros (e & <- & Hin). apply in_flat_map in Hin as (b & [Hb Hm]%filter_In & (o & <- & Ho)%in_map_iff). exists b.
      apply andb_true_iff in Hm as [Hp%Z.eqb_eq Ha]. unfold udp_addr_matches in Ha. apply orb_true_iff in Ha.
      rewrite !bool_decide_eq_true in Ha. destruct o. simpl. split_and!; try done. by apply list_elem_of_In.
    + intros (b & Hb & Ho & Hp & Ha). exists (endpoint b o). split; [by destruct o|]. apply in_flat_map. exists b. split.
      * apply filter_In. split; [done|]. apply andb_true_iff. split; [by apply Z.eqb_eq|]. unfold udp_addr_matches.
        apply orb_true_iff. by rewrite !bool_decide_eq_true.
      * apply in_map. by apply list_elem_of_In.
  - apply targets_distinct; [apply K1|]. rewrite List.Forall_forall. intros b Hb. apply (tok_owners _ K1 b Hb).
Qed.

(** ** Fork *)

(** The two loops of [bump_inherited_resource_refcounts] over the sockets the
    child inherits: every reservation first, then every publication. *)
Fixpoint prepare_sockets (so : Z) (mem : nat -> InheritMemory) (parent child : Z) (idxs : list Z) : op BindingTables unit :=
  match idxs with
  | [] => op_ret tt
  | idx :: idxs =>
      do! _ <- prepare_inet_binding_owners so (mem 0%nat) parent child idx;
      prepare_sockets so (fun i => mem (S i)) parent child idxs
  end.

Fixpoint publish_sockets (parent child : Z) (idxs : list Z) (B : BindingTables) : option BindingTables :=
  match idxs with
  | [] => Some B
  | idx :: idxs => B' ← publish_inet_binding_owners parent child idx B; publish_sockets parent child idxs B'
  end.

(** Room for the child beside the parent. *)
Definition room {T} `{HasBindingOwners T} (p c : BindingOwner) (t : IoBuffer T) : Prop :=
  Forall (fun b => inherits p c b = true -> len (owners b) < capacity (owners b)) (values t).

Definition rooms (p c : BindingOwner) (B : BindingTables) : Prop :=
  room p c (udp_bindings B) /\ room p c (udp6_bindings B) /\ room p c (tcp_bindings B) /\ room p c (tcp6_bindings B).

Lemma room_regrown {T} `{PortTable T} p c (t t' : IoBuffer T) : Forall2 regrown (values t) (values t') -> room p c t -> room p c t'.
Proof.
  unfold room. intros Hl. rewrite !List.Forall_forall. intros Hr b' Hb'. apply list_elem_of_In, list_elem_of_lookup_1 in Hb' as (i & Hi).
  destruct (Forall2_lookup_r _ _ _ _ _ Hl Hi) as (b & Hb & cap & -> & Hc). unfold inherits. rewrite owners_set. simpl. intros Hinh.
  specialize (Hr b (proj1 (list_elem_of_In _ _) (list_elem_of_lookup_2 _ _ _ Hb)) Hinh). unfold len in *. simpl. lia.
Qed.

Lemma publish_iff_rooms parent child idx B :
  is_Some (publish_inet_binding_owners parent child idx B) <-> rooms (mkOwner parent idx) (mkOwner child idx) B.
Proof.
  unfold publish_inet_binding_owners, inherit_binding_owner, rooms, room. split.
  - intros [B' E]. destruct (inherit_list _ _ (values (udp_bindings B))) as [l1|] eqn:E1; [|done].
    destruct (inherit_list _ _ (values (udp6_bindings B))) as [l2|] eqn:E2; [|done].
    destruct (inherit_list _ _ (values (tcp_bindings B))) as [l3|] eqn:E3; [|done].
    destruct (inherit_list _ _ (values (tcp6_bindings B))) as [l4|] eqn:E4; [|done].
    split_and!; by eapply inherit_list_room.
  - intros (R1 & R2 & R3 & R4). rewrite (inherit_list_spec _ _ _ R1), (inherit_list_spec _ _ _ R2), (inherit_list_spec _ _ _ R3),
      (inherit_list_spec _ _ _ R4). by eexists.
Qed.

(** Another socket of the process is in other bindings, which a publication
    leaves alone. *)
Lemma room_extended {T} `{PortTable T} parent child i j (t t' : IoBuffer T) : table_ok t -> i <> j ->
  values t' = map (extended (mkOwner parent i) (mkOwner child i)) (values t) ->
  room (mkOwner parent j) (mkOwner child j) t -> room (mkOwner parent j) (mkOwner child j) t'.
Proof.
  intros Hok Hij Hv. unfold room. rewrite Hv, !List.Forall_forall. intros Hr b' (b & <- & Hb)%in_map_iff Hinh.
  assert (owned (mkOwner parent j) b) as Hown.
  { apply andb_true_iff in Hinh as [Hp _]. apply contains_iff in Hp. apply owned_extended in Hp as [|[[= _ ?] _]]; done. }
  assert (extended (mkOwner parent i) (mkOwner child i) b = b) as E.
  { unfold extended, inherits. destruct (contains (owners b) (mkOwner parent i)) eqn:Hp; [|done].
    apply contains_iff in Hp. by pose proof (tok_index _ Hok b _ _ Hb Hp Hown). }
  rewrite E in *. by apply Hr.
Qed.

Lemma unowned_extended {T} `{PortTable T} parent child i j (t t' : IoBuffer T) : i <> j ->
  values t' = map (extended (mkOwner parent i) (mkOwner child i)) (values t) -> unowned (mkOwner child j) t -> unowned (mkOwner child j) t'.
Proof.
  intros Hij Hv Hn b'. rewrite Hv. intros (b & <- & Hb)%in_map_iff Ho. apply owned_extended in Ho as [Ho|[[= ?] _]]; [by apply (Hn b)|done].
Qed.

Lemma unowned_regrown {T} `{PortTable T} o (t t' : IoBuffer T) : Forall2 regrown (values t) (values t') -> unowned o t -> unowned o t'.
Proof.
  intros Hl Hn b' Hb'. apply list_elem_of_In, list_elem_of_lookup_1 in Hb' as (i & Hi).
  destruct (Forall2_lookup_r _ _ _ _ _ Hl Hi) as (b & Hb & cap & -> & Hc). rewrite owners_set. simpl. apply Hn.
  by eapply list_elem_of_In, list_elem_of_lookup_2.
Qed.

Definition regrown_tables (B B' : BindingTables) : Prop :=
  Forall2 regrown (values (udp_bindings B)) (values (udp_bindings B')) /\ Forall2 regrown (values (udp6_bindings B)) (values (udp6_bindings B'))
  /\ Forall2 regrown (values (tcp_bindings B)) (values (tcp_bindings B')) /\ Forall2 regrown (values (tcp6_bindings B)) (values (tcp6_bindings B')).

Lemma regrown_trans {T} `{PortTable T} (l1 l2 l3 : list T) : Forall2 regrown l1 l2 -> Forall2 regrown l2 l3 -> Forall2 regrown l1 l3.
Proof.
  intros H12. revert l3. induction H12 as [|a b l1 l2 (c & -> & Hc) _ IH]; intros l3 H23; inversion H23 as [|? b3 ? l3' (c' & -> & Hc')]; subst; constructor; [|auto].
  exists c'. rewrite owners_set in *. simpl in *. split; [by rewrite set_set|lia].
Qed.

Lemma prepare_sockets_spec so mem parent child idxs B : tables_ok B -> exists B' r,
  prepare_sockets so mem parent child idxs B = Some (B', r) /\ tables_ok B' /\ regrown_tables B B'
  /\ (r = Ok tt -> forall idx, In idx idxs -> rooms (mkOwner parent idx) (mkOwner child idx) B').
Proof.
  revert mem B. induction idxs as [|i idxs IH]; intros mem B Hok; cbn [prepare_sockets].
  { eexists B, (Ok tt). split_and!; try done. split_and!; apply regrown_list. }
  unfold op_bind. destruct (prepare_inet_spec so (mem 0%nat) parent child i B Hok) as (B1 & [[]|e] & -> & Hok1 & G1 & G2 & G3 & G4 & Hp).
  2: { eexists B1, (Err e). by split_and!. }
  destruct (IH (fun i => mem (S i)) B1 Hok1) as (B2 & r & -> & Hok2 & (L1 & L2 & L3 & L4) & Hr). eexists B2, r. split; [done|]. split; [done|]. split.
  - split_and!; by eapply regrown_trans.
  - intros -> idx [<-|Hin]; [|by apply Hr]. specialize (Hp eq_refl). apply publish_iff_rooms in Hp as (R1 & R2 & R3 & R4).
    split_and!; by eapply room_regrown.
Qed.

(** The owners of the bindings of a child's parent, in a table of any kind. *)
Definition inherited_by {T} `{HasBindingOwners T} (parent child : Z) (idxs : list Z) (t t' : IoBuffer T) : Prop :=
  forall i b, values t !! i = Some b -> exists b', values t' !! i = Some b'
    /\ forall o, o ∈ values (owners b') <-> o ∈ values (owners b)
         \/ exists idx, In idx idxs /\ o = mkOwner child idx /\ mkOwner parent idx ∈ values (owners b).

Lemma inherited_extend {T} `{PortTable T} parent child i idxs (t t1 t' : IoBuffer T) : ~ In i idxs ->
  values t1 = map (extended (mkOwner parent i) (mkOwner child i)) (values t) -> inherited_by parent child idxs t1 t' ->
  inherited_by parent child (i :: idxs) t t'.
Proof.
  intros Hi Hv Hinh k b Hk. destruct (Hinh k (extended (mkOwner parent i) (mkOwner child i) b)) as (b' & Hb' & Ho).
  { rewrite Hv, list_lookup_fmap, Hk. done. }
  exists b'. split; [done|]. intros o. rewrite Ho.
  assert (forall o, o ∈ values (owners (extended (mkOwner parent i) (mkOwner child i) b)) <->
    o ∈ values (owners b) \/ o = mkOwner child i /\ mkOwner parent i ∈ values (owners b)) as Hext by (intros; apply owned_extended).
  rewrite Hext. split.
  - intros [[?|[-> ?]]|(idx & Hin & -> & Hp)]; [by left|by right; exists i; split; [left|]|].
    right. exists idx. split; [by right|]. split; [done|]. apply Hext in Hp as [?|[[= _ ->] _]]; done.
  - intros [?|(idx & [<-|Hin] & -> & Hp)]; [by left; left|by left; right|]. right. exists idx. split; [done|]. split; [done|]. apply Hext. by left.
Qed.

(** A fork takes over all port bindings or none. While the reservations for
    the inherited sockets can still fail nothing is owned by the child; once
    they all succeeded the publications cannot panic, and then the child owns
    exactly the bindings of the inherited sockets, beside their owners. *)
Theorem fork_takes_over_bindings z calls B so mem parent child idxs : inet_run z no_bindings calls B -> List.NoDup idxs ->
  (forall idx, owns_nothing (mkOwner child idx) B) ->
  exists B1 r, prepare_sockets so mem parent child idxs B = Some (B1, r)
    /\ (forall idx, owns_nothing (mkOwner child idx) B1)
    /\ (r = Ok tt -> exists B2, publish_sockets parent child idxs B1 = Some B2
          /\ inherited_by parent child idxs (udp_bindings B1) (udp_bindings B2) /\ inherited_by parent child idxs (udp6_bindings B1) (udp6_bindings B2)
          /\ inherited_by parent child idxs (tcp_bindings B1) (tcp_bindings B2) /\ inherited_by parent child idxs (tcp6_bindings B1) (tcp6_bindings B2)).
Proof.
  intros HB%inet_reachable_ok Hnd Hnew. destruct (prepare_sockets_spec so mem parent child idxs B HB) as (B1 & r & Hp & Hok1 & (G1 & G2 & G3 & G4) & Hr).
  exists B1, r. split; [done|]. assert (forall idx, owns_nothing (mkOwner child idx) B1) as Hnew1.
  { intros idx. destruct (Hnew idx) as (N1 & N2 & N3 & N4). split_and!; by eapply unowned_regrown. }
  split; [done|]. intros E. specialize (Hr E). clear -Hok1 Hnd Hr Hnew1. assert (forall idx, In idx idxs -> owns_nothing (mkOwner child idx) B1) as Hn by auto. clear Hnew1.
  revert B1 Hok1 Hr Hn. induction Hnd as [|i idxs Hi Hnd IH]; intros B Hok Hrooms Hnew; cbn [publish_sockets].
  { exists B. assert (forall T (h : HasBindingOwners T) (t : IoBuffer T), inherited_by parent child [] t t) as Hid by (intros T h t k b Hk; exists b; split; [done|];
      intros o; split; [by left|]; intros [?|(? & [] & _)]; done). by split_and!. }
  destruct (proj2 (publish_iff_rooms parent child i B) (Hrooms i (or_introl eq_refl))) as [B1 E]. rewrite E. cbn [mbind option_bind].
  destruct (publish_inet_spec _ _ _ _ _ Hok (Hnew i (or_introl eq_refl)) E) as (Hok1 & V1 & V2 & V3 & V4).
  destruct (IH B1 Hok1) as (B2 & -> & I1 & I2 & I3 & I4).
  - intros j Hj. destruct Hok. destruct (Hrooms j (or_intror Hj)) as (R1 & R2 & R3 & R4).
    assert (i <> j) by (by intros ->). split_and!; by eapply room_extended.
  - intros j Hj. destruct (Hnew j (or_intror Hj)) as (N1 & N2 & N3 & N4). assert (i <> j) by (by intros ->). split_and!; by eapply unowned_extended.
  - exists B2. split; [done|]. split_and!; by eapply inherited_extend.
Qed.

(** ** A listener inherited by a child *)

Definition bind_sizes : BindSizes := mkBindSizes 8 40 56 40 56.
Definition bind_mem : BindMemory := mkBindMemory witness_mem witness_mem.
Definition inherit_mem : InheritMemory := mkInheritMemory (fun _ => witness_mem) (fun _ => witness_mem) (fun _ => witness_mem) (fun _ => witness_mem).

Definition bind_after (c : InetCall) (B : BindingTables) : BindingTables :=
  match inet_call bind_sizes c B with Some (B', _) => B' | None => B end.

(** Process 1 binds TCP port 80 and UDP port 53, then forks process 2. *)
Definition bind_calls : list InetCall :=
  [TcpRegister bind_mem 1 0 any4 80; UdpRegister bind_mem 1 1 any4 53 false].
Definition bound1 : BindingTables := bind_after (TcpRegister bind_mem 1 0 any4 80) no_bindings.
Definition bound2 : BindingTables := bind_after (UdpRegister bind_mem 1 1 any4 53 false) bound1.
Definition bound3 : BindingTables := bind_after (PrepareOwners inherit_mem 1 2 0) bound2.
Definition bound4 : BindingTables := bind_after (PublishOwners 1 2 0) bound3.

Lemma bound2_run : inet_run bind_sizes no_bindings bind_calls bound2.
Proof.
  apply (run_call bind_sizes no_bindings (TcpRegister bind_mem 1 0 any4 80) bound1 (Ok tt)); [exact I|vm_compute; reflexivity|].
  apply (run_call bind_sizes bound1 (UdpRegister bind_mem 1 1 any4 53 false) bound2 (Ok tt)); [exact I|vm_compute; reflexivity|].
  apply run_nil.
Qed.

Lemma bound4_run : inet_run bind_sizes bound2 [PrepareOwners inherit_mem 1 2 0; PublishOwners 1 2 0] bound4.
Proof.
  apply (run_call bind_sizes bound2 (PrepareOwners inherit_mem 1 2 0) bound3 (Ok tt)); [exact I|vm_compute; reflexivity|].
  apply (run_call bind_sizes bound3 (PublishOwners 1 2 0) bound4 (Ok tt)); [|vm_compute; reflexivity|apply run_nil].
  split_and!; intros b; vm_compute; [intros [<-|[]]|intros []|intros [<-|[]]|intros []]; simpl; set_solver.
Qed.

Lemma ports_exclusive_witness : one_binding_each (tcp_bindings bound2).
Proof. apply (ports_exclusive bind_sizes bind_calls bound2 bound2_run). Defined.

(** While the child of process 1 has the listener, nobody else gets its port. *)
Lemma port_held_until_released_witness :
  tcp_register 8 40 bind_mem 3 0 [127; 0; 0; 1] 80 (tcp_bindings bound4) = Some (tcp_bindings bound4, Err EADDRINUSE).
Proof.
  destruct (port_held_until_released bind_sizes bind_calls bound2 [PrepareOwners inherit_mem 1 2 0; PublishOwners 1 2 0] bound4 (mkOwner 1 0)
    bound2_run bound4_run) as [H _]; [intros c [<-|[<-|[]]] []|].
  destruct (H any4 80) as [_ Hr]; [discriminate| |].
  - eexists. split; [left; reflexivity|]. split; [vm_compute; left|split; reflexivity].
  - apply Hr; [discriminate|reflexivity|]. intros b [<-|[]]. vm_compute. discriminate.
Defined.

Lemma datagram_targets_exact_witness :
  collect 3 (udp_bindings bound2) (udp_endpoints [127; 0; 0; 1] 53) = [mkEndpoint 1 1 any4 53 false].
Proof.
  destruct (datagram_targets_exact bind_sizes bind_calls bound2 [127; 0; 0; 1] 53 3 bound2_run) as [H _]; [vm_compute; lia|].
  rewrite H. vm_compute. reflexivity.
Defined.

Lemma fork_takes_over_bindings_witness : exists B1 r, prepare_sockets 8 (fun _ => inherit_mem) 1 2 [0; 1] bound2 = Some (B1, r)
  /\ forall idx, owns_nothing (mkOwner 2 idx) B1.
Proof.
  destruct (fork_takes_over_bindings bind_sizes bind_calls bound2 8 (fun _ => inherit_mem) 1 2 [0; 1] bound2_run) as (B1 & r & H1 & H2 & _).
  - apply NoDup_ListNoDup. by apply (bool_decide_unpack _).
  - intros idx. split_and!; intros b; vm_compute; [intros [<-|[]]|intros []|intros [<-|[]]|intros []]; simpl; set_solver.
  - by exists B1, r.
Defined.
