(* ===== verification/Socket.v ===== *)
(** * Sockets (crates/runtime-core/src/socket.rs)

    The state of a socket, the socket table of a process with what a child
    inherits of it, and the host connections that sockets of several processes
    share. Descriptors in transit in a datagram are a parameter [F], as in
    Pipe.v. The accept queues are in Backlog.v, the ports in Bindings.v. *)

From S2P Require Import Prelude IoBuffer OfdRefs.

(** ** Host connections *)

(** [NEXT_HOST_NET_HANDLE] and [HOST_NET_REFS]. *)
Record HostNet : Type := mkHostNet { next_host_net_handle : Z; host_net_refs : gmap Z Z }.

Definition initial_host_net : HostNet := mkHostNet 1 ∅.

Definition allocate_host_net_handle (n : HostNet) : HostNet * result Z :=
  let next := next_host_net_handle n in
  if next <? i32_max then (mkHostNet (next + 1) (host_net_refs n), Ok (as_i32 next)) else (n, Err ENOBUFS).

(** [fetch_max] of the handle as u32 plus one. *)
Definition reserve_host_net_handle (handle : Z) (n : HostNet) : HostNet :=
  if 0 <=? handle then mkHostNet (Z.max (next_host_net_handle n) (as_u32 handle + 1)) (host_net_refs n) else n.

Definition host_net_handle_close_ref (h : Z) (n : HostNet) : option (HostNet * bool) :=
  match host_net_refs n !! h with
  | Some count =>
      if count =? 0 then None
      else if count - 1 =? 0 then Some (mkHostNet (next_host_net_handle n) (delete h (host_net_refs n)), true)
      else Some (mkHostNet (next_host_net_handle n) (<[h := count - 1]> (host_net_refs n)), false)
  | None => Some (n, true)
  end.

(** ** Sockets *)

Inductive SocketDomain : Type := Unix | Inet | Inet6.
Inductive SocketType : Type := SockStream | Dgram.
Inductive SocketState : Type := Unbound | Bound | Listening | Connecting | Connected | Closed.

#[global] Instance SocketDomain_eq_dec : EqDecision SocketDomain.
Proof. solve_decision. Defined.
#[global] Instance SocketType_eq_dec : EqDecision SocketType.
Proof. solve_decision. Defined.
#[global] Instance SocketState_eq_dec : EqDecision SocketState.
Proof. solve_decision. Defined.

Record PeerCred : Type := mkCred { cred_pid : Z; cred_uid : Z; cred_gid : Z }.

Record Datagram (F : Type) : Type := mkDatagram {
  dg_data : IoBuffer Z; src_addr : list Z; src_addr6 : list Z; dst_addr : list Z; dst_addr6 : list Z; src_port : Z;
  src_sock_idx : option nat; ipv6_tclass : Z; src_pid : Z; src_uid : Z; src_gid : Z; ancillary_fds : list F }.

Record Ipv4MulticastMembership : Type := mkMembership {
  group : list Z; interface_addr : list Z; any_source : bool;
  blocked_sources : IoBuffer (list Z); included_sources : IoBuffer (list Z) }.

(** The fields of [SocketInfo], in groups: the endpoints of a connection, the
    options, the names, the listener, and what can be consumed once. *)
Record SocketLink : Type := mkLink {
  peer_idx : option nat; recv_buf_idx : option nat; send_buf_idx : option nat;
  shut_rd : bool; shut_wr : bool; host_net_handle : option Z; global_pipes : bool }.
Record SocketOptions : Type := mkOptions {
  options : IoBuffer (Z * Z * Z); linger_onoff : Z; linger_seconds : Z; bind_device : option (IoBuffer Z);
  tcp_congestion : IoBuffer Z; recv_timeout_us : Z; send_timeout_us : Z;
  ipv4_multicast_memberships : IoBuffer Ipv4MulticastMembership }.
Record SocketNames : Type := mkNames {
  bind_addr : list Z; bind_addr6 : list Z; bind_port : Z; peer_addr : list Z; udp_source_addr : option (list Z);
  peer_addr6 : list Z; peer_port : Z; peer_cred : option PeerCred; bind_path : option (IoBuffer Z) }.
Record SocketListener : Type := mkListener { shared_backlog_idx : option nat; accept_wake_idx : option Z }.
Record ConsumeOnce (F : Type) : Type := mkOnce {
  listen_backlog : IoBuffer nat; dgram_queue : IoBuffer (Datagram F); netlink_queue : IoBuffer (IoBuffer Z);
  oob_byte : option Z; connect_error : Z }.
Arguments mkOnce {F}. Arguments listen_backlog {F}. Arguments dgram_queue {F}. Arguments netlink_queue {F}.
Arguments oob_byte {F}. Arguments connect_error {F}.

Record SocketInfo (F : Type) : Type := mkSocket {
  poll_identity : option Z; domain : SocketDomain; sock_type : SocketType; protocol : Z; state : SocketState;
  link : SocketLink; opts : SocketOptions; names : SocketNames; listener : SocketListener; once : ConsumeOnce F }.
Arguments mkSocket {F}. Arguments poll_identity {F}. Arguments domain {F}. Arguments sock_type {F}. Arguments protocol {F}.
Arguments state {F}. Arguments link {F}. Arguments opts {F}. Arguments names {F}. Arguments listener {F}. Arguments once {F}.

Definition zero4 : list Z := [0; 0; 0; 0].
Definition zero6 : list Z := replicate 16 0.
(** [b"cubic"]. *)
Definition cubic : list Z := [99; 117; 98; 105; 99].
Definition nothing_queued {F} : ConsumeOnce F := mkOnce new new new None 0.

Section Info.
Context {F : Type}.
Implicit Types (s : SocketInfo F).

Definition try_new (mem : Memory) (d : SocketDomain) (t : SocketType) (protocol : Z) : option (result (SocketInfo F)) :=
  match copy_from 1 mem cubic with
  | None => None
  | Some (Err e) => Some (Err e)
  | Some (Ok congestion) =>
      Some (Ok (mkSocket None d t protocol Unbound (mkLink None None None false false None true)
        (mkOptions new 0 0 None congestion 0 0 new)
        (mkNames zero4 zero6 0 zero4 None zero6 0 None None) (mkListener None None) nothing_queued))
  end.

Definition with_options s (o : IoBuffer (Z * Z * Z)) : SocketInfo F :=
  let p := opts s in
  mkSocket (poll_identity s) (domain s) (sock_type s) (protocol s) (state s) (link s)
    (mkOptions o (linger_onoff p) (linger_seconds p) (bind_device p) (tcp_congestion p) (recv_timeout_us p) (send_timeout_us p)
       (ipv4_multicast_memberships p))
    (names s) (listener s) (once s).

Definition is_option (level optname : Z) (opt : Z * Z * Z) : bool := (fst (fst opt) =? level) && (snd (fst opt) =? optname).

Definition get_option s (level optname : Z) : option Z :=
  option_map snd (List.find (is_option level optname) (values (options (opts s)))).

Definition prepare_option (size : Z) (mem : Memory) (level optname : Z) : op (SocketInfo F) unit := fun s =>
  match get_option s level optname with
  | Some _ => Some (s, Ok tt)
  | None =>
      match try_reserve size mem 1 (options (opts s)) with
      | Some (o, r) => Some (with_options s o, r)
      | None => None
      end
  end.

(** The loop over [iter_mut] stores into the first option found. *)
Definition set_option (size : Z) (mem : Memory) (level optname value : Z) : op (SocketInfo F) unit := fun s =>
  let o := options (opts s) in
  match position (is_option level optname) (values o) with
  | Some i => Some (with_options s (mkIoBuffer (<[i := (level, optname, value)]> (values o)) (capacity o)), Ok tt)
  | None =>
      match (do! _ <- try_reserve size mem 1; push (level, optname, value)) o with
      | Some (o', r) => Some (with_options s o', r)
      | None => None
      end
  end.

(** ** Copies for a child *)

Record MembershipMemory : Type := mkMembershipMemory { blocked_memory : Memory; included_memory : Memory }.
Record SocketMemory : Type := mkSocketMemory {
  memberships_memory : Memory; membership_memory : nat -> MembershipMemory; options_memory : Memory;
  device_memory : Memory; congestion_memory : Memory; path_memory : Memory }.

(** Sequencing of fallible constructors. *)
Definition and_then {A B} (m : option (result A)) (k : A -> option (result B)) : option (result B) :=
  match m with
  | None => None
  | Some (Err e) => Some (Err e)
  | Some (Ok a) => k a
  end.

Definition clone_membership (size : Z) (mem : MembershipMemory) (m : Ipv4MulticastMembership)
    : option (result Ipv4MulticastMembership) :=
  and_then (copy_from size (blocked_memory mem) (values (blocked_sources m))) (fun b =>
  and_then (copy_from size (included_memory mem) (values (included_sources m))) (fun i =>
  Some (Ok (mkMembership (group m) (interface_addr m) (any_source m) b i)))).

Fixpoint clone_memberships (size : Z) (mem : nat -> MembershipMemory) (l : list Ipv4MulticastMembership)
    (out : IoBuffer Ipv4MulticastMembership) : option (result (IoBuffer Ipv4MulticastMembership)) :=
  match l with
  | [] => Some (Ok out)
  | m :: l =>
      and_then (clone_membership size (mem 0%nat) m) (fun m' =>
      match push m' out with
      | Some (out', _) => clone_memberships size (fun i => mem (S i)) l out'
      | None => None
      end)
  end.

Definition copy_option {A} (size : Z) (mem : Memory) (o : option (IoBuffer A)) : option (result (option (IoBuffer A))) :=
  match o with
  | None => Some (Ok None)
  | Some b => and_then (copy_from size mem (values b)) (fun b' => Some (Ok (Some b')))
  end.

Variable size_of_membership size_of_addr size_of_option : Z.

Definition try_clone (mem : SocketMemory) s : option (result (SocketInfo F)) :=
  let p := opts s in
  let n := names s in
  and_then (try_with_capacity size_of_membership (memberships_memory mem) (len (ipv4_multicast_memberships p))) (fun out =>
  and_then (clone_memberships size_of_addr (membership_memory mem) (values (ipv4_multicast_memberships p)) out) (fun memberships =>
  and_then (copy_from size_of_option (options_memory mem) (values (options p))) (fun o =>
  and_then (copy_option 1 (device_memory mem) (bind_device p)) (fun device =>
  and_then (copy_from 1 (congestion_memory mem) (values (tcp_congestion p))) (fun congestion =>
  and_then (copy_option 1 (path_memory mem) (bind_path n)) (fun path =>
  Some (Ok (mkSocket (poll_identity s) (domain s) (sock_type s) (protocol s) (state s) (link s)
    (mkOptions o (linger_onoff p) (linger_seconds p) device congestion (recv_timeout_us p) (send_timeout_us p) memberships)
    (mkNames (bind_addr n) (bind_addr6 n) (bind_port n) (peer_addr n) (udp_source_addr n) (peer_addr6 n) (peer_port n) (peer_cred n) path)
    (listener s) nothing_queued)))))))).
End Info.

(** ** The table of a process *)

Record SocketTable (F : Type) : Type := mkSockets { entries : IoBuffer (option (SocketInfo F)) }.
Arguments mkSockets {F}. Arguments entries {F}.

Section Table.
Context {F : Type}.
Variable size_of_slot : Z.            (** [size_of::<Option<SocketInfo>>()] *)
Implicit Types (t : SocketTable F) (s : SocketInfo F).

Definition new_sockets : SocketTable F := mkSockets new.
Definition socket_slots t : list (option (SocketInfo F)) := values (entries t).
Definition put_slots t (l : list (option (SocketInfo F))) : SocketTable F := mkSockets (mkIoBuffer l (capacity (entries t))).

Definition is_free (o : option (SocketInfo F)) : bool := match o with None => true | Some _ => false end.

Definition get t (idx : nat) : option (SocketInfo F) :=
  match socket_slots t !! idx with Some (Some s) => Some s | _ => None end.

Definition on_entries {A} (m : op (IoBuffer (option (SocketInfo F))) A) : op (SocketTable F) A := fun t =>
  match m (entries t) with
  | Some (b, r) => Some (mkSockets b, r)
  | None => None
  end.

Definition prepare_additional (mem : Memory) (count : Z) : op (SocketTable F) unit := fun t =>
  let free := lenZ (List.filter is_free (socket_slots t)) in
  on_entries (try_reserve size_of_slot mem (saturating_sub count free)) t.

Definition publish_prepared s : op (SocketTable F) nat := fun t =>
  match position is_free (socket_slots t) with
  | Some i => Some (put_slots t (<[i := Some s]> (socket_slots t)), Ok i)
  | None =>
      let idx := length (socket_slots t) in
      (do! _ <- on_entries (push (Some s)); op_ret idx) t
  end.

Definition try_alloc (mem : Memory) s : op (SocketTable F) nat :=
  do! _ <- prepare_additional mem 1;
  publish_prepared s.

(** Out of range it does nothing, as the code's check says. *)
Definition free (idx : nat) t : SocketTable F := put_slots t (<[idx := None]> (socket_slots t)).

(** [get_mut] followed by a change of the socket. *)
Definition update (idx : nat) (f : SocketInfo F -> SocketInfo F) t : SocketTable F :=
  match get t idx with
  | Some s => put_slots t (<[idx := Some (f s)]> (socket_slots t))
  | None => t
  end.

Definition try_insert_at (mem : Memory) (idx : nat) s : op (SocketTable F) unit := fun t =>
  match checked_add usize_max (Z.of_nat idx) 1 with
  | None => Some (t, Err ENOMEM)
  | Some length =>
      (do! _ <- on_entries (try_reserve size_of_slot mem (saturating_sub length (len (entries t))));
       do! t <- op_get id;
       do! _ <- on_entries (extend_from_slice (replicate (Z.to_nat length - List.length (socket_slots t)) None));
       op_modify (fun t => put_slots t (<[idx := Some s]> (socket_slots t)))) t
  end.

(** The negative number kept in a description, [-(slot + 1)]. *)
Definition index_from_ofd_handle (host_handle : Z) : result Z :=
  match checked_add_i64 host_handle 1 with
  | None => Err EBADF
  | Some n =>
      if n =? i64_min then Err EBADF
      else if (0 <=? - n) && (- n <=? usize_max) then Ok (- n) else Err EBADF
  end.

(** ** Inheritance *)

Fixpoint clone_slots (sm sa so : Z) (mem : nat -> SocketMemory) (l : list (option (SocketInfo F)))
    (out : IoBuffer (option (SocketInfo F))) : option (result (IoBuffer (option (SocketInfo F)))) :=
  match l with
  | [] => Some (Ok out)
  | e :: l =>
      and_then (match e with
                | None => Some (Ok None)
                | Some s => and_then (try_clone sm sa so (mem 0%nat) s) (fun s' => Some (Ok (Some s')))
                end) (fun e' =>
      match push e' out with
      | Some (out', _) => clone_slots sm sa so (fun i => mem (S i)) l out'
      | None => None
      end)
  end.

Definition try_clone_table (sm sa so : Z) (table_mem : Memory) (mem : nat -> SocketMemory) t : option (result (SocketTable F)) :=
  and_then (try_with_capacity size_of_slot table_mem (len (entries t))) (fun out =>
  and_then (clone_slots sm sa so mem (socket_slots t) out) (fun b => Some (Ok (mkSockets b)))).

(** The marks of the owning roots, or EBADF for a root without a socket; an
    index past the marks would be a panic. *)
Fixpoint mark_roots t (roots : list nat) (retained : list bool) : option (result (list bool)) :=
  match roots with
  | [] => Some (Ok retained)
  | root :: roots =>
      match get t root with
      | None => Some (Err EBADF)
      | Some _ =>
          match retained !! root with
          | None => None
          | Some _ => mark_roots t roots (<[root := true]> retained)
          end
      end
  end.

Definition without_peer s : SocketInfo F :=
  let k := link s in
  mkSocket (poll_identity s) (domain s) (sock_type s) (protocol s) (state s)
    (mkLink None (recv_buf_idx k) (send_buf_idx k) (shut_rd k) (shut_wr k) (host_net_handle k) (global_pipes k))
    (opts s) (names s) (listener s) (once s).

(** One step of the filter; [peer >= retained.len() || !retained[peer]]. *)
Definition filter_slot (retained : list bool) (index : nat) (slot : option (SocketInfo F)) : option (SocketInfo F) :=
  if negb (default false (retained !! index)) then None
  else
    match slot with
    | None => None
    | Some s =>
        match peer_idx (link s) with
        | Some peer => if negb (default false (retained !! peer)) then Some (without_peer s) else Some s
        | None => Some s
        end
    end.

Definition retain_inherited_roots (mem : Memory) (roots : list nat) : op (SocketTable F) unit := fun t =>
  match (and_then (try_with_capacity 1 mem (len (entries t))) (fun b =>
         match resize (len (entries t)) false b with
         | None => None
         | Some (marks, _) => mark_roots t roots (values marks)
         end)) with
  | None => None
  | Some (Err e) => Some (t, Err e)
  | Some (Ok retained) => Some (put_slots t (imap (filter_slot retained) (socket_slots t)), Ok tt)
  end.

(** ** Host connections of a child *)

Fixpoint root_handles t (roots : list nat) : result (list Z) :=
  match roots with
  | [] => Ok []
  | index :: roots =>
      let? sock := ok_or (get t index) EBADF in
      let? rest := root_handles t roots in
      Ok (match host_net_handle (link sock) with Some h => h :: rest | None => rest end)
  end.

(** [PreparedNetHandleRefs::prepare]; the loop that merges equal handles is
    [merge_runs]. *)
Definition prepare_net_handle_refs (size : Z) (mem : Memory) (admitted : Z -> bool) (n : HostNet) t (roots : list nat)
    : option (result (list PreparedRef)) :=
  and_then (try_with_capacity size mem (lenZ roots)) (fun b =>
  match root_handles t roots with
  | Err e => Some (Err e)
  | Ok handles =>
      match extend_from_slice (map (fun h => (h, 1)) handles) b with
      | None => None
      | Some (filled, _) =>
          Some (let? entries := merge_runs (sort_by_key (values filled)) [] in
                prepare_refs admitted (host_net_refs n) entries)
      end
  end).

Fixpoint publish_net_handle_refs (l : list PreparedRef) (n : HostNet) : option HostNet :=
  match l with
  | [] => Some n
  | e :: l =>
      let n := reserve_host_net_handle (handle e) n in
      let n' := mkHostNet (next_host_net_handle n) (<[handle e := count e]> (host_net_refs n)) in
      match host_net_refs n !! handle e with
      | Some _ => if prepared e then None else publish_net_handle_refs l n'
      | None => if prepared e then publish_net_handle_refs l n' else None
      end
  end.
End Table.
