(* ===== verification/SocketThms.v ===== *)
(** * Sockets: theorems

    Slots of the socket table, what a child inherits of it, and the host
    connections that processes share. *)

From S2P Require Import Prelude IoBuffer OfdRefs Socket.

Section Slots.
Context {F : Type}.
Implicit Types (t : SocketTable F) (s : SocketInfo F).

Definition sockets_ok t : Prop := buf_ok (entries t).

(** Slot [i] holds [e], the others what they held. *)
Definition slot_set t t' (i : nat) (e : option (SocketInfo F)) : Prop :=
  sockets_ok t' /\ forall j, get t' j = if decide (j = i) then e else get t j.

Lemma get_lookup t i s : get t i = Some s <-> socket_slots t !! i = Some (Some s).
Proof. unfold get. destruct (socket_slots t !! i) as [[]|]; split; congruence. Qed.

Lemma put_slot_set t i e : sockets_ok t -> (i < length (socket_slots t))%nat -> slot_set t (put_slots t (<[i := e]> (socket_slots t))) i e.
Proof.
  intros Hok Hi. split; [unfold sockets_ok, buf_ok, len in *; simpl; by rewrite length_insert|]. intros j. unfold get, socket_slots at 1. simpl.
  case_decide as E; [subst j; by rewrite list_lookup_insert_eq; [destruct e|]|by rewrite list_lookup_insert_ne].
Qed.

Lemma reserve_slots size mem n t : sockets_ok t -> exists t' r, on_entries (try_reserve size mem n) t = Some (t', r)
  /\ socket_slots t' = socket_slots t /\ sockets_ok t' /\ (r = Ok tt -> len (entries t) + n <= capacity (entries t'))
  /\ forall e, r = Err e -> t' = t /\ (e = ENOMEM \/ e = EIO).
Proof.
  intros Hok. unfold on_entries. destruct (try_reserve_spec size mem n (entries t)) as (b & r & -> & R1 & R2 & R3 & R4).
  eexists _, r. split; [done|]. unfold socket_slots, sockets_ok, buf_ok, len in *. simpl. rewrite R1. split_and!; [done|lia|done|].
  intros e He. destruct (R4 e He) as [-> He']. by destruct t.
Qed.

Lemma free_none t : lenZ (List.filter is_free (socket_slots t)) = 0 -> position is_free (socket_slots t) = None.
Proof.
  intros H. apply position_None. intros x Hx. destruct (is_free x) eqn:E; [|done].
  assert (In x (List.filter is_free (socket_slots t))) as Hin by (by apply filter_In). destruct (List.filter _ _); [done|simpl in H; lia].
Qed.

Lemma socket_alloc_spec size mem s t : sockets_ok t -> exists t' r, try_alloc size mem s t = Some (t', r)
  /\ match r with
     | Ok i => slot_set t t' i (Some s) /\ get t i = None /\ forall j, (j < i)%nat -> is_Some (get t j)
     | Err e => t' = t /\ (e = ENOMEM \/ e = EIO)
     end.
Proof.
  intros Hok. unfold try_alloc, op_bind, prepare_additional.
  destruct (reserve_slots size mem (saturating_sub 1 (lenZ (List.filter is_free (socket_slots t)))) t Hok) as (t1 & [[]|e] & -> & S1 & Hok1 & Hc & He).
  2: { destruct (He e eq_refl) as [-> ?]. by eexists t, (Err e). }
  assert (forall j, get t1 j = get t j) as Hget by (intros j; unfold get; by rewrite S1).
  unfold publish_prepared. destruct (position is_free (socket_slots t1)) as [i|] eqn:Hp.
  - eexists _, (Ok i). split; [done|]. destruct (position_first _ _ _ Hp) as [(x & Hi & Hx) Hfirst].
    split_and!.
    + destruct (put_slot_set t1 i (Some s) Hok1) as [H1 H2]; [by eapply lookup_lt_Some|]. split; [done|]. intros j. rewrite H2. by rewrite Hget.
    + rewrite <- Hget. unfold get. rewrite Hi. by destruct x.
    + intros j Hj. rewrite <- Hget. unfold get. destruct (socket_slots t1 !! j) as [x'|] eqn:Ej.
      * specialize (Hfirst j x' Hj Ej). by destruct x'.
      * apply lookup_ge_None in Ej. apply lookup_lt_Some in Hi. lia.
  - unfold op_bind, on_entries. pose proof (proj1 (position_None _ _) Hp) as Hall.
    assert (lenZ (List.filter is_free (socket_slots t)) = 0) as Hz.
    { rewrite <- S1. rewrite filter_none; [done|]. exact Hall. }
    rewrite Hz in Hc. specialize (Hc eq_refl). unfold saturating_sub in Hc. simpl in Hc. unfold len in Hc. fold (socket_slots t) in Hc.
    destruct (push_spec (Some s) (entries t1)) as [-> Hb]; [unfold len; fold (socket_slots t1); rewrite S1; lia|].
    eexists _, (Ok _). split; [done|]. rewrite S1. split_and!.
    + split; [done|]. intros j. unfold get, socket_slots at 1. simpl. fold (socket_slots t1). rewrite S1. case_decide as E.
      * subst j. by rewrite lookup_app_r, Nat.sub_diag.
      * destruct (decide (j < length (socket_slots t))%nat); [by rewrite lookup_app_l|].
        rewrite lookup_app_r by lia. rewrite (lookup_ge_None_2 (socket_slots t)) by lia. destruct (j - length (socket_slots t))%nat eqn:En; [lia|done].
    + unfold get. by rewrite lookup_ge_None_2.
    + intros j Hj. unfold get. apply lookup_lt_is_Some in Hj as [x Hx]. rewrite Hx. rewrite S1 in Hall.
      specialize (Hall x (proj1 (list_elem_of_In _ _) (list_elem_of_lookup_2 _ _ _ Hx))). by destruct x.
Qed.

(** ** Copies *)

Definition contents (m : Ipv4MulticastMembership) : list Z * list Z * bool * list (list Z) * list (list Z) :=
  (group m, interface_addr m, any_source m, values (blocked_sources m), values (included_sources m)).

(** A copy has every field, in buffers of its own, but nothing queued. *)
Record copy_of s s' : Prop := {
  co_identity : poll_identity s' = poll_identity s /\ domain s' = domain s /\ sock_type s' = sock_type s
    /\ protocol s' = protocol s /\ state s' = state s;
  co_link : link s' = link s;
  co_listener : listener s' = listener s;
  co_options : values (options (opts s')) = values (options (opts s));
  co_device : option_map values (bind_device (opts s')) = option_map values (bind_device (opts s));
  co_congestion : values (tcp_congestion (opts s')) = values (tcp_congestion (opts s));
  co_times : (linger_onoff (opts s'), linger_seconds (opts s'), recv_timeout_us (opts s'), send_timeout_us (opts s'))
    = (linger_onoff (opts s), linger_seconds (opts s), recv_timeout_us (opts s), send_timeout_us (opts s));
  co_groups : map contents (values (ipv4_multicast_memberships (opts s'))) = map contents (values (ipv4_multicast_memberships (opts s)));
  co_names : (bind_addr (names s'), bind_addr6 (names s'), bind_port (names s'), peer_addr (names s'), udp_source_addr (names s'),
      peer_addr6 (names s'), peer_port (names s'), peer_cred (names s'))
    = (bind_addr (names s), bind_addr6 (names s), bind_port (names s), peer_addr (names s), udp_source_addr (names s),
      peer_addr6 (names s), peer_port (names s), peer_cred (names s));
  co_path : option_map values (bind_path (names s')) = option_map values (bind_path (names s));
  co_once : once s' = nothing_queued }.

(** A fallible constructor that does not panic and, if it returns a value,
    returns one with [P]. *)
Definition makes {A} (m : option (result A)) (P : A -> Prop) : Prop := exists r, m = Some r /\ forall a, r = Ok a -> P a.

Lemma makes_ok {A} (a : A) (P : A -> Prop) : P a -> makes (Some (Ok a)) P.
Proof. intros H. eexists. split; [done|]. by intros ? [= <-]. Qed.

Lemma makes_then {A B} (m : option (result A)) (k : A -> option (result B)) (P : A -> Prop) (Q : B -> Prop) :
  makes m P -> (forall a, P a -> makes (k a) Q) -> makes (and_then m k) Q.
Proof.
  intros (r & -> & Hr) Hk. destruct r as [a|e]; simpl; [by apply Hk, Hr|]. by exists (Err e).
Qed.

Lemma makes_copy {A} size mem (vs : list A) : makes (copy_from size mem vs) (fun b => values b = vs).
Proof. destruct (copy_from_total size mem vs) as (r & -> & Hr). exists r. split; [done|]. intros b Hb. by apply Hr. Qed.

Lemma makes_copy_option {A} size mem (o : option (IoBuffer A)) :
  makes (copy_option size mem o) (fun o' => option_map values o' = option_map values o).
Proof.
  destruct o as [b|]; simpl; [|by apply makes_ok]. eapply makes_then; [apply makes_copy|]. intros b' Hb. apply makes_ok. simpl. by rewrite Hb.
Qed.

Lemma makes_room {A} size mem n : makes (@try_with_capacity A size mem n) (fun b => values b = [] /\ n <= capacity b).
Proof.
  unfold try_with_capacity, build. destruct (try_reserve_exact_spec size mem n (@new A)) as (b & [[]|e] & -> & R1 & _ & R3 & _).
  - apply makes_ok. split; [done|]. specialize (R3 eq_refl). unfold len in R3. simpl in R3. lia.
  - by exists (Err e).
Qed.

Lemma makes_memberships size mem l out : len out + lenZ l <= capacity out ->
  makes (clone_memberships size mem l out) (fun b => map contents (values b) = map contents (values out) ++ map contents l).
Proof.
  revert mem out. induction l as [|m l IH]; intros mem out Hroom; cbn [clone_memberships]; [apply makes_ok; by rewrite app_nil_r|].
  simpl in Hroom. eapply (makes_then _ _ (fun m' => contents m' = contents m)).
  - unfold clone_membership. eapply makes_then; [apply makes_copy|]. intros b Hb. eapply makes_then; [apply makes_copy|]. intros i Hi.
    apply makes_ok. unfold contents. simpl. by rewrite Hb, Hi.
  - intros m' Hm. destruct (push_spec m' out) as [-> _]; [lia|].
    destruct (IH (fun i => mem (S i)) (mkIoBuffer (values out ++ [m']) (capacity out))) as (r & -> & Hr).
    { unfold len in *. simpl. rewrite length_app. simpl. lia. }
    exists r. split; [done|]. intros b Hb. rewrite (Hr b Hb). simpl. rewrite map_app. simpl. by rewrite Hm, <- app_assoc.
Qed.

Lemma try_clone_makes sm sa so mem s : makes (try_clone sm sa so mem s) (copy_of s).
Proof.
  unfold try_clone. eapply makes_then; [apply makes_room|]. intros out [Hout Hcap].
  eapply makes_then; [apply makes_memberships; unfold len in *; rewrite Hout; simpl; lia|]. intros ms Hms.
  eapply makes_then; [apply makes_copy|]. intros o Ho. eapply makes_then; [apply makes_copy_option|]. intros d Hd.
  eapply makes_then; [apply makes_copy|]. intros c Hc. eapply makes_then; [apply makes_copy_option|]. intros p Hp.
  apply makes_ok. rewrite Hout in Hms. by split.
Qed.

Inductive slot_copy : option (SocketInfo F) -> option (SocketInfo F) -> Prop :=
  | slot_copy_none : slot_copy None None
  | slot_copy_some s s' : copy_of s s' -> slot_copy (Some s) (Some s').

Lemma clone_slots_makes sm sa so mem l out : len out + lenZ l <= capacity out ->
  makes (clone_slots sm sa so mem l out) (fun b => buf_ok b /\ exists l', values b = values out ++ l' /\ Forall2 slot_copy l l').
Proof.
  revert mem out. induction l as [|e l IH]; intros mem out Hroom; cbn [clone_slots].
  { apply makes_ok. split; [unfold buf_ok; simpl in Hroom; lia|]. exists []. by rewrite app_nil_r. }
  simpl in Hroom. eapply (makes_then _ _ (slot_copy e)).
  - destruct e as [s|]; [|apply makes_ok; constructor]. eapply makes_then; [apply try_clone_makes|]. intros s' Hs. apply makes_ok. by constructor.
  - intros e' He. destruct (push_spec e' out) as [-> _]; [lia|].
    destruct (IH (fun i => mem (S i)) (mkIoBuffer (values out ++ [e']) (capacity out))) as (r & -> & Hr).
    { unfold len in *. simpl. rewrite length_app. simpl. lia. }
    exists r. split; [done|]. intros b Hb. destruct (Hr b Hb) as (Hok & l' & Hl & Hf). split; [done|]. exists (e' :: l').
    simpl in Hl. rewrite Hl, <- app_assoc. split; [done|by constructor].
Qed.

Lemma try_clone_table_makes size sm sa so tm mem t :
  makes (try_clone_table size sm sa so tm mem t) (fun c => sockets_ok c /\ Forall2 slot_copy (socket_slots t) (socket_slots c)).
Proof.
  unfold try_clone_table. eapply makes_then; [apply makes_room|]. intros out [Hout Hcap].
  eapply makes_then; [apply clone_slots_makes; unfold len in *; rewrite Hout; simpl; fold (socket_slots t) in *; lia|].
  intros b (Hok & l' & Hl & Hf). rewrite Hout in Hl. apply makes_ok. split; [done|]. unfold socket_slots. simpl in *. by rewrite Hl.
Qed.

(** ** Roots *)

Lemma mark_roots_spec t roots marks : length marks = length (socket_slots t) ->
  exists r, mark_roots t roots marks = Some r /\ match r with
  | Ok marks' => length marks' = length marks /\ (forall root, In root roots -> is_Some (get t root))
      /\ forall i, default false (marks' !! i) = default false (marks !! i) || existsb (Nat.eqb i) roots
  | Err e => e = EBADF /\ exists root, In root roots /\ get t root = None
  end.
Proof.
  revert marks. induction roots as [|root roots IH]; intros marks Hlen; cbn [mark_roots].
  { eexists. split; [done|]. split_and!; [done|done|]. intros i. by rewrite orb_false_r. }
  destruct (get t root) as [s|] eqn:Eg; [|eexists; split; [done|]; split; [done|]; exists root; split; [by left|done]].
  apply get_lookup in Eg as El. apply lookup_lt_Some in El. destruct (lookup_lt_is_Some_2 marks root) as [x Hx]; [lia|]. rewrite Hx.
  destruct (IH (<[root := true]> marks)) as (r & -> & Hr); [by rewrite length_insert|]. exists r. split; [done|]. destruct r as [marks'|e].
  - destruct Hr as (H1 & H2 & H3). rewrite length_insert in H1. split_and!; [done| |].
    + intros r [<-|Hr]; [by exists s|by apply H2].
    + intros i. rewrite H3. cbn [existsb]. destruct (Nat.eqb_spec i root) as [->|Hne]; [rewrite list_lookup_insert_eq by lia; simpl; by rewrite orb_true_r|].
      by rewrite list_lookup_insert_ne.
  - destruct Hr as (-> & r & Hr & ?). split; [done|]. exists r. split; [by right|done].
Qed.

(** What is left of a copied slot. *)
Lemma filter_slot_spec marks i (e : option (SocketInfo F)) : filter_slot marks i e
  = match e with
    | Some s => if default false (marks !! i)
                then Some (match peer_idx (link s) with
                           | Some p => if default false (marks !! p) then s else without_peer s
                           | None => s
                           end)
                else None
    | None => None
    end.
Proof.
  unfold filter_slot. destruct (default false (marks !! i)), e as [s|]; simpl; try done.
  destruct (peer_idx (link s)) as [p|]; [|done]. by destruct (default false (marks !! p)).
Qed.

Lemma retain_inherited_roots_spec mem roots t : sockets_ok t -> exists t' r, retain_inherited_roots mem roots t = Some (t', r) /\
  match r with
  | Ok _ => sockets_ok t' /\ (forall root, In root roots -> is_Some (get t root))
      /\ forall i, get t' i = match get t i with
           | Some s => if existsb (Nat.eqb i) roots
                       then Some (match peer_idx (link s) with
                                  | Some p => if existsb (Nat.eqb p) roots then s else without_peer s
                                  | None => s
                                  end)
                       else None
           | None => None
           end
  | Err e => t' = t /\ (e = EBADF /\ (exists root, In root roots /\ get t root = None) \/ e = ENOMEM \/ e = EIO)
  end.
Proof.
  intros Hok. unfold retain_inherited_roots.
  assert (exists r, try_with_capacity 1 mem (len (entries t)) = Some r /\ match r with
    | Ok b => values b = [] /\ len (entries t) <= capacity b | Err e => e = ENOMEM \/ e = EIO end) as (r & -> & Hr).
  { unfold try_with_capacity, build. destruct (try_reserve_exact_spec 1 mem (len (entries t)) (@new bool)) as (b & [[]|e] & -> & R1 & _ & R3 & R4).
    - eexists. split; [done|]. split; [done|]. specialize (R3 eq_refl). unfold len in *. simpl in R3. lia.
    - eexists. split; [done|]. by destruct (R4 e eq_refl). }
  destruct r as [b|e]; cbn [and_then]; [|eexists t, (Err e); split; [done|]; split; [done|by right]].
  destruct Hr as [Hv Hcap]. unfold resize. rewrite (proj2 (Z.leb_le _ _) Hcap). cbn [values]. rewrite Hv.
  assert (length (resize_list (Z.to_nat (len (entries t))) false []) = length (socket_slots t)) as Hlen.
  { rewrite length_resize_list. unfold len. fold (socket_slots t). lia. }
  destruct (mark_roots_spec t roots _ Hlen) as (r & -> & Hr). destruct r as [marks|e].
  2: { destruct Hr as (-> & Hroot). eexists t, (Err EBADF). split; [done|]. split; [done|by left]. }
  destruct Hr as (Hl & Hsome & Hm). eexists _, (Ok tt). split; [done|].
  assert (forall i, default false (marks !! i) = existsb (Nat.eqb i) roots) as Hmark.
  { intros i. rewrite Hm. unfold resize_list. rewrite take_nil. simpl. rewrite Nat.sub_0_r.
    assert (forall n, default false (replicate n false !! i) = false) as Hf by (intros n; destruct (replicate n false !! i) as [x|] eqn:E; [|done]; by apply lookup_replicate in E as [-> _]).
    by rewrite Hf. }
  split_and!.
  - unfold sockets_ok, buf_ok, len in *. simpl. by rewrite length_imap.
  - done.
  - intros i. unfold get, socket_slots at 1. simpl. rewrite list_lookup_imap. destruct (socket_slots t !! i) as [e|]; [|done]. simpl.
    rewrite filter_slot_spec, Hmark. destruct e as [s|]; [|done]. destruct (existsb (Nat.eqb i) roots); [|done].
    destruct (peer_idx (link s)) as [p|]; [|done]. by rewrite Hmark.
Qed.

(** Slot by slot. *)
Lemma slot_copies t c : Forall2 slot_copy (socket_slots t) (socket_slots c) ->
  forall i, match get c i with Some s' => exists s, get t i = Some s /\ copy_of s s' | None => get t i = None end.
Proof.
  intros Hf i. unfold get. destruct (socket_slots c !! i) as [e'|] eqn:E.
  - destruct (Forall2_lookup_r _ _ _ _ _ Hf E) as (e & He & Hs). rewrite He. inversion Hs; subst; [done|]. by eexists.
  - apply lookup_ge_None in E. rewrite (lookup_ge_None_2 (socket_slots t)); [done|]. by rewrite (Forall2_length _ _ _ Hf).
Qed.

(** A child inherits the sockets its descriptors name and nothing that can be
    consumed once. Copying and filtering never panic. When both succeed the
    child has a socket exactly in the named slots, with the options, names and
    connection of the parent's and no queued data; an edge to a peer is kept
    when the peer is inherited too, so that no edge leads out of the table.
    A slot that is no socket is refused with EBADF before anything is filtered. *)
Theorem child_inherits_named_sockets size sm sa so table_mem mem roots_mem roots t :
  exists r, try_clone_table size sm sa so table_mem mem t = Some r /\ forall c, r = Ok c ->
  exists c' r', retain_inherited_roots roots_mem roots c = Some (c', r') /\
  match r' with
  | Ok _ =>
      (forall i, is_Some (get c' i) <-> In i roots)
      /\ (forall i s', get c' i = Some s' -> exists s, get t i = Some s /\ once s' = nothing_queued
            /\ values (options (opts s')) = values (options (opts s)) /\ bind_port (names s') = bind_port (names s)
            /\ host_net_handle (link s') = host_net_handle (link s) /\ shared_backlog_idx (listener s') = shared_backlog_idx (listener s)
            /\ peer_idx (link s') = match peer_idx (link s) with Some p => if decide (p ∈ roots) then Some p else None | None => None end)
      /\ (forall i s' p, get c' i = Some s' -> peer_idx (link s') = Some p -> is_Some (get c' p))
  | Err e => c' = c /\ (e = EBADF /\ (exists root, In root roots /\ get t root = None) \/ e = ENOMEM \/ e = EIO)
  end.
Proof.
  destruct (try_clone_table_makes size sm sa so table_mem mem t) as (r & -> & Hr). exists r. split; [done|]. intros c Hc.
  destruct (Hr c Hc) as [Hok Hf]. clear Hr Hc. destruct (retain_inherited_roots_spec roots_mem roots c Hok) as (c' & r' & -> & Hr').
  exists c', r'. split; [done|].
  pose proof (slot_copies t c Hf) as Hcopy.
  destruct r' as [[]|e].
  2: { destruct Hr' as [-> He]. split; [done|]. destruct He as [(-> & root & Hin & Hn)|He]; [|by right]. left. split; [done|].
       exists root. split; [done|]. specialize (Hcopy root). by rewrite Hn in Hcopy. }
  destruct Hr' as (Hok' & Hsome & Hget).
  assert (forall i, existsb (Nat.eqb i) roots = true <-> In i roots) as Hin.
  { intros i. rewrite existsb_exists. split; [by intros (x & Hx & ->%Nat.eqb_eq)|]. intros Hi. exists i. by rewrite Nat.eqb_refl. }
  assert (forall i, is_Some (get c' i) <-> In i roots) as Hroots.
  { intros i. rewrite Hget, <- Hin. destruct (get c i) as [s|] eqn:E.
    - by destruct (existsb (Nat.eqb i) roots); split; [|intros _; eexists|intros []%is_Some_None|].
    - split; [intros []%is_Some_None|]. intros Hi%Hin%Hsome. rewrite E in Hi. by destruct Hi. }
  split_and!; [done| |].
  - intros i s' Hs'. rewrite Hget in Hs'. specialize (Hcopy i). destruct (get c i) as [s0|]; [|done]. destruct Hcopy as (s & Hs & Hc).
    destruct (existsb (Nat.eqb i) roots); [|done]. exists s. split; [done|]. pose proof Hc as [_ Hl Hli Ho _ _ _ _ Hn _ Hone].
    injection Hs' as <-. injection Hn as _ _ Hport _ _ _ _ _. rewrite <- Hl, <- Hli.
    destruct (peer_idx (link s0)) as [p|] eqn:Ep; [|by rewrite Ep]. destruct (existsb (Nat.eqb p) roots) eqn:Er.
    + rewrite Ep, decide_True by (by apply list_elem_of_In, Hin). done.
    + rewrite decide_False; [done|]. rewrite list_elem_of_In, <- Hin. congruence.
  - intros i s' p Hs' Hp. apply Hroots. rewrite Hget in Hs'. destruct (get c i) as [s0|]; [|done].
    destruct (existsb (Nat.eqb i) roots); [|done]. injection Hs' as <-. destruct (peer_idx (link s0)) as [q|] eqn:Ep; [|congruence].
    destruct (existsb (Nat.eqb q) roots) eqn:Er; [|done]. rewrite Ep in Hp. injection Hp as <-. by apply Hin.
Qed.
End Slots.

(** ** Handles of descriptions *)

(** The number a description keeps for a socket decodes to its slot, and only
    the number of a slot decodes. *)
Theorem socket_handle_decodes h i : index_from_ofd_handle h = Ok i <-> h = - (i + 1) /\ 0 <= i <= usize_max.
Proof.
  unfold index_from_ofd_handle, checked_add_i64, usize_max, u32_max, i64_max, i64_min.
  destruct (_ && _) eqn:Hr; [|split; [done|]; intros [-> Hi]; exfalso; apply andb_false_iff in Hr as [?|?]; to_prop; lia].
  to_prop. destruct (Z.eqb_spec (h + 1) (-9223372036854775808)) as [E|E].
  { split; [done|]. intros [-> Hi]. lia. }
  destruct (_ && _) eqn:Hu.
  - to_prop. split; [intros [= <-]; lia|]. intros [-> Hi]. f_equal. lia.
  - split; [done|]. intros [-> Hi]. exfalso. apply andb_false_iff in Hu as [?|?]; to_prop; lia.
Qed.

(** ** Options *)

Lemma find_position {A} (p : A -> bool) l : List.find p l = match position p l with Some i => l !! i | None => None end.
Proof. induction l as [|x l IH]; simpl; [done|]. destruct (p x); [done|]. rewrite IH. by destruct (position p l). Qed.

Lemma find_insert {A} (p : A -> bool) l i x : position p l = Some i -> p x = true -> List.find p (<[i := x]> l) = Some x.
Proof.
  revert i. induction l as [|y l IH]; intros i; simpl; [done|]. destruct (p y) eqn:Ey; [intros [= <-] Hx; simpl; by rewrite Hx|].
  destruct (position p l) as [j|] eqn:Ej; [|done]. intros [= <-] Hx. simpl. rewrite Ey. by apply IH.
Qed.

Lemma find_insert_other {A} (p q : A -> bool) l i x : position p l = Some i -> (forall y, p y = true -> q y = false) -> p x = true ->
  List.find q (<[i := x]> l) = List.find q l.
Proof.
  intros Hi Hpq Hx. revert i Hi. induction l as [|y l IH]; intros i; simpl; [done|]. destruct (p y) eqn:Ey.
  - intros [= <-]. simpl. by rewrite (Hpq x Hx), (Hpq y Ey).
  - destruct (position p l) as [j|]; [|done]. intros [= <-]. simpl. destruct (q y); [done|]. by apply IH.
Qed.

Lemma list_find_snoc {A} (q : A -> bool) l x : List.find q (l ++ [x]) = match List.find q l with Some y => Some y | None => if q x then Some x else None end.
Proof. induction l as [|y l IH]; simpl; [by destruct (q x)|]. by destruct (q y). Qed.

(** A stored option reads back, and storing it changes no other option; an
    allocation that fails changes none. *)
Theorem socket_option_reads_back {F} size mem level optname value (s : SocketInfo F) : buf_ok (options (opts s)) ->
  exists s' r, set_option size mem level optname value s = Some (s', r) /\ buf_ok (options (opts s')) /\
  forall l o, get_option s' l o
    = if is_ok r && (l =? level) && (o =? optname) then Some value else get_option s l o.
Proof.
  intros Hok. unfold set_option. set (p := is_option level optname).
  assert (p (level, optname, value) = true) as Hp by (unfold p, is_option; simpl; by rewrite !Z.eqb_refl).
  assert (forall l o (x : Z * Z * Z), ~ (l = level /\ o = optname) -> p x = true -> is_option l o x = false) as Hother.
  { intros l o [[a b] c] Hne Hx. unfold p, is_option in *. simpl in *. to_prop. apply andb_false_iff. rewrite !Z.eqb_neq.
    destruct (Z.eq_dec a l); [|by left]. right. intros ->. apply Hne. split; congruence. }
  assert (forall b : bool, b = true -> forall l o, b && (l =? level) && (o =? optname) = bool_decide (l = level /\ o = optname)) as Hdec.
  { intros b -> l o. simpl. destruct (Z.eqb_spec l level), (Z.eqb_spec o optname); case_bool_decide; simpl; tauto. }
  destruct (position p (values (options (opts s)))) as [i|] eqn:Ei.
  - eexists _, (Ok tt). split; [done|]. split; [unfold buf_ok, len in *; simpl; by rewrite length_insert|].
    intros l o. rewrite (Hdec (is_ok (Ok tt)) eq_refl). unfold get_option. simpl. case_bool_decide as E.
    + destruct E as [-> ->]. fold p. by rewrite (find_insert p _ _ _ Ei Hp).
    + rewrite (find_insert_other p (is_option l o) _ _ _ Ei); [done|intros y; by apply Hother|done].
  - unfold op_bind. destruct (try_reserve_spec size mem 1 (options (opts s))) as (b & [[]|e] & -> & R1 & R2 & R3 & R4).
    + specialize (R3 eq_refl). destruct (push_spec (level, optname, value) b) as [-> Hb]; [unfold len in *; rewrite R1; lia|].
      eexists _, (Ok tt). split; [done|]. split; [done|]. intros l o. rewrite (Hdec (is_ok (Ok tt)) eq_refl). unfold get_option. simpl.
      rewrite R1, list_find_snoc, !find_position. case_bool_decide as E.
      * destruct E as [-> ->]. fold p. by rewrite Ei, Hp.
      * rewrite (Hother l o _ E Hp). by destruct (match position _ _ with Some i => _ | None => _ end).
    + destruct (R4 e eq_refl) as [-> _]. eexists _, (Err e). split; [done|]. split; [done|]. done.
Qed.

(** ** Host connections *)

(** The connections the host has open, with their owners: sockets of any
    process. *)
Record NetState : Type := mkNet { net : HostNet; net_owners : Z -> Z; connections : gset Z }.

Definition initial_net : NetState := mkNet initial_host_net (fun _ => 0) ∅.

(** A socket connects under a fresh handle; a child inherits the sockets of
    its parent; an owner closes. *)
Inductive net_step {F : Type} (size : Z) : NetState -> NetState -> Prop :=
  | net_connect s n h : allocate_host_net_handle (net s) = (n, Ok h) ->
      net_step size s (mkNet n (bump (net_owners s) h 1) ({[h]} ∪ connections s))
  | net_fork mem admitted (t : SocketTable F) roots handles s ps n : root_handles t roots = Ok handles ->
      (forall h, In h handles -> 0 < net_owners s h) ->
      prepare_net_handle_refs size mem admitted (net s) t roots = Some (Ok ps) ->
      publish_net_handle_refs ps (net s) = Some n ->
      net_step size s (mkNet n (fun h => net_owners s h + occurrences h handles) (connections s))
  | net_close h s n last : 0 < net_owners s h -> host_net_handle_close_ref h (net s) = Some (n, last) ->
      net_step size s (mkNet n (bump (net_owners s) h (-1)) (if last then connections s ∖ {[h]} else connections s)).

(** The state of the references of host handles it amounts to. *)
Definition as_handles (s : NetState) : HandleState := mkHandles (host_net_refs (net s)) (net_owners s) (connections s).

Record net_ok (s : NetState) : Prop := {
  net_handles : handles_ok (as_handles s);
  net_next : 1 <= next_host_net_handle (net s) <= i32_max;
  net_below : forall h, 0 < net_owners s h -> 1 <= h < next_host_net_handle (net s);
}.

Lemma close_net_ref h n : host_net_handle_close_ref h n
  = match host_handle_close_ref h (host_net_refs n) with
    | Some (refs', last) => Some (mkHostNet (next_host_net_handle n) refs', last)
    | None => None
    end.
Proof. unfold host_net_handle_close_ref, host_handle_close_ref. destruct n as [next refs]. simpl. by destruct (refs !! h); [repeat case_match|]. Qed.

(** Handles below the next one stay below it. *)
Lemma publish_net_refs ps n : next_host_net_handle n <= i32_max -> (forall e, In e ps -> 1 <= handle e < next_host_net_handle n) ->
  publish_net_handle_refs ps n = option_map (mkHostNet (next_host_net_handle n)) (publish_refs ps (host_net_refs n)).
Proof.
  intros Hn. destruct n as [next refs]. simpl in *. revert refs. induction ps as [|e ps IH]; intros refs He; [done|]. cbn [publish_net_handle_refs publish_refs].
  assert (reserve_host_net_handle (handle e) (mkHostNet next refs) = mkHostNet next refs) as ->.
  { unfold reserve_host_net_handle, as_u32. specialize (He e (or_introl eq_refl)). rewrite (proj2 (Z.leb_le _ _)) by lia. simpl.
    rewrite Z.mod_small by (unfold i32_max in *; lia). f_equal. lia. }
  simpl. rewrite IH by (intros; apply He; by right). by destruct (refs !! handle e), (prepared e).
Qed.

Lemma prepare_refs_handles admitted refs entries ps : prepare_refs admitted refs entries = Ok ps -> map handle ps = map fst entries.
Proof.
  revert ps. induction entries as [|[h n] entries IH]; intros ps; simpl; [by intros [= <-]|]. unfold ok_or.
  destruct (checked_add _ _ _); [|done]. destruct (match refs !! h with Some _ => _ | None => _ end); [|done].
  destruct (prepare_refs admitted refs entries) as [rest|]; [|done]. intros [= <-]. simpl. f_equal. by apply IH.
Qed.

Lemma net_fork_ok {F} size mem admitted (t : SocketTable F) roots handles s ps : net_ok s -> root_handles t roots = Ok handles ->
  (forall h, In h handles -> 0 < net_owners s h) -> prepare_net_handle_refs size mem admitted (net s) t roots = Some (Ok ps) ->
  exists n, publish_net_handle_refs ps (net s) = Some n
    /\ net_ok (mkNet n (fun h => net_owners s h + occurrences h handles) (connections s)).
Proof.
  intros [N1 N2 N3] Hh Hown. unfold prepare_net_handle_refs. destruct (try_with_capacity size mem (lenZ roots)) as [[b|e]|] eqn:Ew; [|done|done].
  cbn [and_then]. rewrite Hh. unfold extend_from_slice. destruct (_ <=? _); [|done].
  assert (values b = []) as ->.
  { destruct (@makes_room (Z * Z) size mem (lenZ roots)) as (r & Er & Hr). rewrite Ew in Er. injection Er as <-. by apply Hr. }
  simpl app. cbn [values]. destruct (merge_runs _ _) as [es|] eqn:Em; [|done]. intros [= Hp].
  destruct (merged_refs_spec admitted (host_net_refs (net s)) handles es ps Em Hp) as (refs' & Hpub & Hmore).
  assert (forall e, In e ps -> 1 <= handle e < next_host_net_handle (net s)) as Hbound.
  { intros e He. apply N3, Hown, occurrences_pos. apply (in_map handle) in He. rewrite (prepare_refs_handles _ _ _ _ Hp) in He.
    apply in_map_iff in He as ([k c] & Hk & Hin). simpl in Hk. subst k. apply merge_ones in Em as (Ha & Hpos & Ht).
    rewrite <- Ht, (ascending_total _ _ _ Ha Hin). unfold positive in Hpos. rewrite List.Forall_forall in Hpos. specialize (Hpos _ Hin). simpl in Hpos. lia. }
  rewrite publish_net_refs, Hpub by (done || lia). eexists. split; [done|]. split; simpl.
  - apply (shared_more_ok handles (as_handles s)); done.
  - done.
  - intros h Hpos. apply N3. pose proof (occurrences_nonneg h handles). destruct (Z.ltb_spec 0 (occurrences h handles)) as [Hin|]; [|lia].
    by apply Hown, occurrences_pos.
Qed.

Lemma net_close_ok s h : net_ok s -> 0 < net_owners s h -> exists n last, host_net_handle_close_ref h (net s) = Some (n, last)
  /\ last = bool_decide (net_owners s h = 1)
  /\ net_ok (mkNet n (bump (net_owners s) h (-1)) (if last then connections s ∖ {[h]} else connections s)).
Proof.
  intros [N1 N2 N3] Hown. destruct (close_ok (as_handles s) h N1 Hown) as (refs' & last & E & -> & Hok). rewrite close_net_ref.
  change (host_net_refs (net s)) with (refs (as_handles s)). rewrite E. eexists _, _. split; [done|]. split; [done|]. split; simpl; [done|done|].
  intros k. unfold bump. destruct (Z.eqb_spec h k) as [<-|]; intros Hk; apply N3; lia.
Qed.

Lemma net_connect_ok s n h : net_ok s -> allocate_host_net_handle (net s) = (n, Ok h) ->
  h ∉ connections s /\ net_ok (mkNet n (bump (net_owners s) h 1) ({[h]} ∪ connections s)).
Proof.
  intros [[C1 C2] N2 N3]. unfold allocate_host_net_handle. destruct (Z.ltb_spec (next_host_net_handle (net s)) i32_max) as [Hlt|]; [|done].
  intros [= <- <-]. set (next := next_host_net_handle (net s)) in *.
  assert (as_i32 next = next) as ->.
  { unfold as_i32. rewrite Z.mod_small by (unfold i32_max in *; lia). rewrite (proj2 (Z.leb_le _ _)) by lia. done. }
  simpl in C1, C2. assert (~ 0 < net_owners s next) as Hfree by (intros ?%N3; lia).
  split; [by rewrite C2|]. split; simpl; [split; simpl|unfold i32_max in *; lia|].
  - intros k. specialize (C1 k). unfold bump. destruct (Z.eqb_spec next k) as [<-|]; [|by rewrite Z.add_0_r]. destruct (host_net_refs (net s) !! next); lia.
  - intros k. rewrite elem_of_union, elem_of_singleton, C2. unfold bump. destruct (Z.eqb_spec next k) as [<-|]; [|rewrite Z.add_0_r; split; [by intros [->|]|by right]].
    specialize (C1 next). destruct (host_net_refs (net s) !! next); split; intros; try lia; by left.
  - intros k. unfold bump. destruct (Z.eqb_spec next k) as [<-|]; intros Hk; [lia|]. rewrite Z.add_0_r in Hk. specialize (N3 k Hk). lia.
Qed.

Lemma reachable_net_ok {F} size s : rtc (net_step (F := F) size) initial_net s -> net_ok s.
Proof.
  intros H. assert (net_ok initial_net) as H0.
  { split; simpl; [split; simpl; intros h; [rewrite lookup_empty; lia|split; [set_solver|lia]]|unfold i32_max; lia|intros; lia]. }
  revert H0. induction H as [|x y z Hstep _ IH]; [done|]. intros Hok. apply IH. destruct Hstep as [s n h E|mem adm t roots handles s ps n Hh Hown Hp Hpub|h s n last Hown E].
  - by apply net_connect_ok.
  - destruct (net_fork_ok _ _ _ _ _ _ _ _ Hok Hh Hown Hp) as (n' & E & ?). by rewrite Hpub in E; injection E as <-.
  - destruct (net_close_ok _ _ Hok Hown) as (n' & last' & E' & _ & ?). by rewrite E in E'; injection E' as <- <-.
Qed.

(** A connection is closed at the host by its last owner. However sockets
    connect, are inherited by children and are closed, the host has a
    connection open exactly as long as a socket owns it; a close never panics
    and closes the connection exactly when the caller is its only owner; a
    prepared inheritance is published without a panic; and a new connection
    never gets the handle of one that is open. *)
Theorem connection_closed_by_last_owner {F} size s : rtc (net_step (F := F) size) initial_net s ->
  (forall h, h ∈ connections s <-> 0 < net_owners s h)
  /\ (forall h, 0 < net_owners s h -> exists n, host_net_handle_close_ref h (net s) = Some (n, bool_decide (net_owners s h = 1)))
  /\ (forall n h, allocate_host_net_handle (net s) = (n, Ok h) -> h ∉ connections s)
  /\ (forall mem admitted (t : SocketTable F) roots handles ps, root_handles t roots = Ok handles ->
        (forall h, In h handles -> 0 < net_owners s h) ->
        prepare_net_handle_refs size mem admitted (net s) t roots = Some (Ok ps) -> is_Some (publish_net_handle_refs ps (net s))).
Proof.
  intros Hok%reachable_net_ok. split_and!.
  - apply (open_while_owned _ (net_handles _ Hok)).
  - intros h Hown. destruct (net_close_ok _ _ Hok Hown) as (n & last & E & -> & _). by exists n.
  - intros n h E. by apply (net_connect_ok _ _ _ Hok E).
  - intros mem admitted t roots handles ps Hh Hown Hp. destruct (net_fork_ok _ _ _ _ _ _ _ _ Hok Hh Hown Hp) as (n & E & _). by exists n.
Qed.

(** A connection of one socket. *)
Definition witness_net : NetState := mkNet (mkHostNet 2 ∅) (bump (fun _ => 0) 1 1) ({[1]} ∪ ∅).

Lemma witness_net_reachable : rtc (net_step (F := unit) 32) initial_net witness_net.
Proof. apply rtc_once. refine (net_connect 32 initial_net (mkHostNet 2 ∅) 1 _). vm_compute. reflexivity. Qed.

Lemma connection_closed_by_last_owner_witness : exists n, host_net_handle_close_ref 1 (net witness_net) = Some (n, true).
Proof.
  destruct (connection_closed_by_last_owner 32 witness_net witness_net_reachable) as (_ & H & _). apply (H 1). vm_compute. reflexivity.
Defined.

Lemma socket_option_reads_back_witness : exists s', 
  set_option 12 witness_mem 1 2 7 (mkSocket (F := unit) None Inet Dgram 0 Unbound (mkLink None None None false false None true)
    (mkOptions new 0 0 None new 0 0 new) (mkNames zero4 zero6 0 zero4 None zero6 0 None None) (mkListener None None) nothing_queued)
  = Some (s', Ok tt) /\ get_option s' 1 2 = Some 7.
Proof.
  destruct (socket_option_reads_back 12 witness_mem 1 2 7 (mkSocket (F := unit) None Inet Dgram 0 Unbound (mkLink None None None false false None true)
    (mkOptions new 0 0 None new 0 0 new) (mkNames zero4 zero6 0 zero4 None zero6 0 None None) (mkListener None None) nothing_queued)) as (s' & r & E & _ & H);
    [by vm_compute|].
  assert (r = Ok tt) as -> by (vm_compute in E; congruence). exists s'. split; [exact E|]. rewrite H. reflexivity.
Defined.
