(* ===== verification/Backlog.v ===== *)
(** * Shared accept queues (crates/runtime-core/src/socket.rs)

    The queue of a listening stream socket, shared by every process that
    inherited the listener. A slot counts the listeners that refer to it;
    when the last one goes, the connections nobody accepted lose their server
    ends, which live in the pipe table. *)

From S2P Require Import Prelude IoBuffer Pipe PipeTable OfdRefs.
From S2P Require Import Socket.

Record PendingConnection : Type := mkPending {
  local_addr : list Z; from_addr : list Z; from_addr6 : list Z; peer_is_ipv6 : bool; from_port : Z;
  peer_pid : Z; peer_sock_idx : option nat; from_cred : option PeerCred;
  recv_pipe_idx : nat; send_pipe_idx : nat; host_connection_id : Z }.

Record SharedBacklog : Type := mkBacklog { queue : IoBuffer PendingConnection; ref_count : Z; in_use : bool }.
Record SharedBacklogTable : Type := mkBacklogs { backlogs : IoBuffer SharedBacklog }.

Definition no_backlogs : SharedBacklogTable := mkBacklogs new.
Definition backlog_slots (t : SharedBacklogTable) : list SharedBacklog := values (backlogs t).
Definition put_backlog (i : nat) (e : SharedBacklog) (t : SharedBacklogTable) : SharedBacklogTable :=
  mkBacklogs (mkIoBuffer (<[i := e]> (backlog_slots t)) (IoBuffer.capacity (backlogs t))).

Section Backlogs.
Variable size_of_backlog size_of_pending : Z.

(** A freed slot is taken first; its queue keeps its memory. *)
Definition try_alloc (mem : Memory) : op SharedBacklogTable nat := fun t =>
  match position (fun e => negb (in_use e)) (backlog_slots t) with
  | Some i =>
      match backlog_slots t !! i with
      | Some e => Some (put_backlog i (mkBacklog (clear (queue e)) 1 true) t, Ok i)
      | None => None
      end
  | None =>
      match (do! _ <- try_reserve size_of_backlog mem 1; push (mkBacklog new 1 true)) (backlogs t) with
      | Some (b, Ok _) => Some (mkBacklogs b, Ok (length (backlog_slots t)))
      | Some (b, Err e) => Some (mkBacklogs b, Err e)
      | None => None
      end
  end.

(** The entry of a slot that is allocated. *)
Definition live_backlog (t : SharedBacklogTable) (idx : nat) : option SharedBacklog :=
  match backlog_slots t !! idx with
  | Some e => if in_use e then Some e else None
  | None => None
  end.

Definition prepare_push (mem : Memory) (idx : nat) : op SharedBacklogTable unit := fun t =>
  match live_backlog t idx with
  | None => Some (t, Err ECONNREFUSED)
  | Some e =>
      match try_reserve size_of_pending mem 1 (queue e) with
      | Some (q, r) => Some (put_backlog idx (mkBacklog q (ref_count e) (in_use e)) t, r)
      | None => None
      end
  end.

Definition add_ref (idx : nat) (t : SharedBacklogTable) : SharedBacklogTable :=
  match live_backlog t idx with
  | Some e => put_backlog idx (mkBacklog (queue e) (saturating_add u32_max (ref_count e) 1) (in_use e)) t
  | None => t
  end.

(** Push of a prepared connection; [false] for a slot that is free. *)
Definition publish_pending (idx : nat) (pc : PendingConnection) (t : SharedBacklogTable) : option (SharedBacklogTable * bool) :=
  match live_backlog t idx with
  | Some e =>
      match push pc (queue e) with
      | Some (q, _) => Some (put_backlog idx (mkBacklog q (ref_count e) (in_use e)) t, true)
      | None => None
      end
  | None => Some (t, false)
  end.

Definition pop (idx : nat) (t : SharedBacklogTable) : SharedBacklogTable * option PendingConnection :=
  match live_backlog t idx with
  | Some e =>
      match values (queue e) with
      | pc :: rest => (put_backlog idx (mkBacklog (mkIoBuffer rest (IoBuffer.capacity (queue e))) (ref_count e) (in_use e)) t, Some pc)
      | [] => (t, None)
      end
  | None => (t, None)
  end.

Definition backlog_len (t : SharedBacklogTable) (idx : nat) : Z :=
  match live_backlog t idx with Some e => IoBuffer.len (queue e) | None => 0 end.

(** ** With the pipes of the connections *)

Context {F D : Type}.

(** The server ends of a connection nobody accepted. *)
Definition abandon (pc : PendingConnection) (p : Table F D) : Table F D :=
  let p := free_if_closed (recv_pipe_idx pc) (with_slot (recv_pipe_idx pc) close_read_end p) in
  free_if_closed (send_pipe_idx pc) (with_slot (send_pipe_idx pc) close_write_end p).

Definition dec_ref (idx : nat) (t : SharedBacklogTable) (p : Table F D) : SharedBacklogTable * Table F D :=
  match live_backlog t idx with
  | None => (t, p)
  | Some e =>
      let n := saturating_sub (ref_count e) 1 in
      if n =? 0
      then (put_backlog idx (mkBacklog new n false) t, fold_left (fun p pc => abandon pc p) (values (queue e)) p)
      else (put_backlog idx (mkBacklog (queue e) n (in_use e)) t, p)
  end.

Definition matches (recv send : nat) (token : Z) (pc : PendingConnection) : bool :=
  (recv_pipe_idx pc =? recv)%nat && (send_pipe_idx pc =? send)%nat && (host_connection_id pc =? token).

(** The position of the first live slot with the connection, and in it. *)
Fixpoint find_pending (recv send : nat) (token : Z) (i : nat) (l : list SharedBacklog) : option (nat * nat) :=
  match l with
  | [] => None
  | e :: l =>
      if negb (in_use e) then find_pending recv send token (S i) l
      else
        match position (matches recv send token) (values (queue e)) with
        | Some j => Some (i, j)
        | None => find_pending recv send token (S i) l
        end
  end.

(** Close an end of the pipe in a slot if it still belongs to the connection. *)
Definition close_if (token : Z) (idx : nat) (g : Pipe F D -> Pipe F D) (p : Table F D) : Table F D :=
  match PipeTable.get p idx with
  | Some b => if tcp_connection_id (stream b) =? token then with_slot idx g p else p
  | None => p
  end.

Definition cancel_injected_connection (recv send : nat) (token : Z) (t : SharedBacklogTable) (p : Table F D)
    : SharedBacklogTable * Table F D * bool :=
  if (token =? 0) || negb (bool_decide (checked_add usize_max (Z.of_nat recv) 1 = Some (Z.of_nat send))) then (t, p, false)
  else
    match find_pending recv send token 0 (backlog_slots t) with
    | None => (t, p, false)
    | Some (i, j) =>
        match backlog_slots t !! i with
        | None => (t, p, false)
        | Some e =>
            let t := put_backlog i (mkBacklog (mkIoBuffer (remove_at j (values (queue e))) (IoBuffer.capacity (queue e))) (ref_count e) (in_use e)) t in
            let p := free_if_closed recv (close_if token recv close_read_end p) in
            (t, free_if_closed send (close_if token send close_write_end p), true)
        end
    end.
End Backlogs.
