(* ===== verification/BacklogThms.v ===== *)
(** * Shared accept queues: theorems

    Listeners of several processes over the shared queues: a slot lives as
    long as a listener refers to it, and every queued connection leaves its
    queue exactly once. *)

From S2P Require Import Prelude IoBuffer Pipe PipeTable OfdRefs.
From S2P Require Import Socket Backlog.

(** How often a slot occurs among the listeners. *)
Definition references (i : nat) (l : list nat) : Z := lenZ (List.filter (Nat.eqb i) l).

Lemma references_cons i j l : references i (j :: l) = (if (i =? j)%nat then 1 else 0) + references i l.
Proof. unfold references. simpl. destruct (i =? j)%nat; simpl; lia. Qed.

Lemma references_app i l1 l2 : references i (l1 ++ l2) = references i l1 + references i l2.
Proof. unfold references. rewrite List.filter_app, length_app. lia. Qed.

Lemma references_pos i l : 0 < references i l <-> In i l.
Proof.
  induction l as [|j l IH]; [unfold references; simpl; split; [lia|done]|]. rewrite references_cons. simpl. rewrite <- IH.
  pose proof (Nat2Z.is_nonneg (length (List.filter (Nat.eqb i) l))). unfold references in *. destruct (Nat.eqb_spec i j) as [->|]; split; intros; try lia; auto.
Qed.

(** The connections in all queues. *)
Definition pending (t : SharedBacklogTable) : list PendingConnection := concat (map (fun e => values (queue e)) (backlog_slots t)).

Section Accept.
Context {F D : Type}.
Variable size_of_backlog size_of_pending : Z.

(** The shared tables, the slots the listening sockets of all processes refer
    to, and what became of every connection so far. *)
Record Accept : Type := mkAccept {
  accept_table : SharedBacklogTable; accept_pipes : Table F D; listeners : list nat;
  queued : list PendingConnection; accepted : list PendingConnection;
  abandoned : list PendingConnection; cancelled : list PendingConnection }.

(** The connections that go with the last reference to a slot, and those a
    cancellation takes out. *)
Definition lost (i : nat) (t : SharedBacklogTable) : list PendingConnection :=
  match live_backlog t i with Some e => if ref_count e <=? 1 then values (queue e) else [] | None => [] end.
Definition withdrawn (recv send : nat) (token : Z) (t : SharedBacklogTable) : list PendingConnection :=
  match find_pending recv send token 0 (backlog_slots t) with
  | Some (i, j) => match live_backlog t i with Some e => match values (queue e) !! j with Some pc => [pc] | None => [] end | None => [] end
  | None => []
  end.

Inductive accept_step : Accept -> Accept -> Prop :=
  | accept_listen mem t p l q a b c t' r : try_alloc size_of_backlog mem t = Some (t', r) ->
      accept_step (mkAccept t p l q a b c) (mkAccept t' p (match r with Ok i => i :: l | Err _ => l end) q a b c)
  | accept_inherit i t p l q a b c : In i l -> references i l < u32_max ->
      accept_step (mkAccept t p l q a b c) (mkAccept (add_ref i t) p (i :: l) q a b c)
  | accept_close l1 i l2 t p q a b c t' p' : dec_ref i t p = (t', p') ->
      accept_step (mkAccept t p (l1 ++ i :: l2) q a b c) (mkAccept t' p' (l1 ++ l2) q a (lost i t ++ b) c)
  | accept_prepare mem i t p l q a b c t' r : prepare_push size_of_pending mem i t = Some (t', r) ->
      accept_step (mkAccept t p l q a b c) (mkAccept t' p l q a b c)
  | accept_connect i pc t p l q a b c t' ok : publish_pending i pc t = Some (t', ok) ->
      accept_step (mkAccept t p l q a b c) (mkAccept t' p l (if (ok : bool) then pc :: q else q) a b c)
  | accept_accept i t p l q a b c t' r : pop i t = (t', r) ->
      accept_step (mkAccept t p l q a b c) (mkAccept t' p l q (match r with Some pc => pc :: a | None => a end) b c)
  | accept_cancel recv send token t p l q a b c t' p' ok : cancel_injected_connection recv send token t p = (t', p', ok) ->
      accept_step (mkAccept t p l q a b c) (mkAccept t' p' l q a b (if (ok : bool) then withdrawn recv send token t ++ c else c)).

Definition no_listeners (p : Table F D) : Accept := mkAccept no_backlogs p [] [] [] [] [].

(** ** The invariant *)

Definition slot_ok (l : list nat) (i : nat) (e : SharedBacklog) : Prop :=
  buf_ok (queue e) /\ if in_use e then ref_count e = references i l /\ 1 <= ref_count e <= u32_max
                      else references i l = 0 /\ values (queue e) = [].

Record backlogs_ok (t : SharedBacklogTable) (l : list nat) : Prop := {
  bk_buf : buf_ok (backlogs t);
  bk_slots : forall i e, backlog_slots t !! i = Some e -> slot_ok l i e;
  bk_range : forall i, In i l -> (i < length (backlog_slots t))%nat;
}.

Lemma live_lookup t i e : live_backlog t i = Some e <-> backlog_slots t !! i = Some e /\ in_use e = true.
Proof. unfold live_backlog. destruct (backlog_slots t !! i) as [e'|]; [|by split; [|intros []]]. destruct (in_use e') eqn:E; split; [by intros [= <-]|by intros [[= <-] _]|done|intros [[= <-] ?]; congruence]. Qed.

Lemma put_ok t l i e e' : backlogs_ok t l -> backlog_slots t !! i = Some e -> slot_ok l i e' -> backlogs_ok (put_backlog i e' t) l.
Proof.
  intros [B1 B2 B3] Hi He. split.
  - unfold buf_ok, IoBuffer.len in *. simpl. by rewrite length_insert.
  - intros j x. unfold backlog_slots at 1. simpl. destruct (decide (i = j)) as [<-|Hne].
    + rewrite list_lookup_insert_eq by (by eapply lookup_lt_Some). by intros [= <-].
    + rewrite list_lookup_insert_ne by done. apply B2.
  - intros j Hj. unfold backlog_slots at 1. simpl. rewrite length_insert. by apply B3.
Qed.

(** Only the references of slot [i] changed. *)
Lemma relist_ok t l l' i e e' : backlogs_ok t l -> backlog_slots t !! i = Some e -> slot_ok l' i e' ->
  (forall j, j <> i -> references j l' = references j l) -> (forall j, In j l' -> j = i \/ In j l) -> backlogs_ok (put_backlog i e' t) l'.
Proof.
  intros [B1 B2 B3] Hi He Hr Hin. split.
  - unfold buf_ok, IoBuffer.len in *. simpl. by rewrite length_insert.
  - intros j x. unfold backlog_slots at 1. simpl. destruct (decide (i = j)) as [<-|Hne].
    + rewrite list_lookup_insert_eq by (by eapply lookup_lt_Some). by intros [= <-].
    + rewrite list_lookup_insert_ne by done. intros Hx. specialize (B2 j x Hx). unfold slot_ok in *. by rewrite Hr by congruence.
  - intros j [->|Hj]%Hin; unfold backlog_slots at 1; simpl; rewrite length_insert; [by eapply lookup_lt_Some|by apply B3].
Qed.

Lemma pending_put t i e e' : backlog_slots t !! i = Some e ->
  pending (put_backlog i e' t) ++ values (queue e) ≡ₚ pending t ++ values (queue e').
Proof.
  intros Hi. unfold pending, put_backlog, backlog_slots in *. simpl. rewrite <- (take_drop_middle _ _ _ Hi) at 2.
  rewrite insert_take_drop by (by eapply lookup_lt_Some). rewrite !map_app, !concat_app. simpl. solve_Permutation.
Qed.

Lemma alloc_ok mem t l t' r : backlogs_ok t l -> try_alloc size_of_backlog mem t = Some (t', r) ->
  backlogs_ok t' (match r with Ok i => i :: l | Err _ => l end) /\ pending t' = pending t.
Proof.
  intros Hok. pose proof Hok as [B1 B2 B3]. unfold try_alloc. destruct (position _ _) as [i|] eqn:Hp.
  - apply position_Some in Hp as (e & Hi & Hn & _). apply negb_true_iff in Hn. rewrite Hi. intros [= <- <-].
    destruct (B2 i e Hi) as [Hb Hu]. rewrite Hn in Hu. destruct Hu as [Hz Hq]. split.
    + eapply relist_ok; try done.
      * split; [unfold buf_ok, IoBuffer.len in *; simpl; lia|]. simpl. rewrite references_cons, Nat.eqb_refl, Hz. unfold u32_max. lia.
      * intros j Hj. rewrite references_cons. by destruct (Nat.eqb_spec j i).
      * intros j [->|?]; auto.
    + unfold pending, put_backlog, backlog_slots in *. simpl. rewrite <- (take_drop_middle _ _ _ Hi) at 2.
      rewrite insert_take_drop by (by eapply lookup_lt_Some). rewrite !map_app, !concat_app. simpl. by rewrite Hq.
  - unfold op_bind. destruct (try_reserve_spec size_of_backlog mem 1 (backlogs t)) as (b & [[]|e] & -> & R1 & R2 & R3 & R4).
    2: { destruct (R4 e eq_refl) as [-> _]. intros [= <- <-]. split; [|done]. by destruct t. }
    specialize (R3 eq_refl). destruct (push_spec (mkBacklog IoBuffer.new 1 true) b) as [-> Hb]; [unfold IoBuffer.len in *; rewrite R1; lia|].
    intros [= <- <-]. assert (references (length (backlog_slots t)) l = 0) as Hz.
    { destruct (Z.eq_dec (references (length (backlog_slots t)) l) 0) as [|Hne]; [done|].
      assert (In (length (backlog_slots t)) l) as Hin by (apply references_pos; unfold references in *; lia). apply B3 in Hin. lia. }
    unfold pending, backlog_slots in *. cbn [backlogs values]. split; [split; unfold backlog_slots; cbn [backlogs values]|].
    + exact Hb.
    + intros i e. rewrite R1. intros [Hi|[Hi He]]%lookup_app_Some.
      * destruct (B2 i e Hi) as [Hq Hu]. split; [done|]. rewrite references_cons. pose proof (lookup_lt_Some _ _ _ Hi).
        destruct (Nat.eqb_spec i (length (values (backlogs t)))); [lia|]. done.
      * apply list_lookup_singleton_Some in He as [He <-]. assert (i = length (values (backlogs t))) as -> by lia.
        split; [done|]. simpl. rewrite references_cons, Nat.eqb_refl, Hz. unfold u32_max. lia.
    + intros i [<-|Hi]; rewrite R1, length_app; simpl; [lia|]. specialize (B3 i Hi). lia.
    + rewrite R1, map_app, concat_app. simpl. by rewrite app_nil_r.
Qed.

Lemma inherit_ok i t l : backlogs_ok t l -> In i l -> references i l < u32_max ->
  backlogs_ok (add_ref i t) (i :: l) /\ pending (add_ref i t) ≡ₚ pending t.
Proof.
  intros Hok Hi Hmax. pose proof Hok as [B1 B2 B3]. destruct (lookup_lt_is_Some_2 _ _ (B3 i Hi)) as [e He].
  destruct (B2 i e He) as [Hb Hu]. unfold add_ref, live_backlog. rewrite He. destruct (in_use e) eqn:Eu.
  2: { apply references_pos in Hi. lia. }
  split.
  - eapply relist_ok; try done.
    + split; [done|]. rewrite Eu. simpl. unfold saturating_add. rewrite references_cons, Nat.eqb_refl. lia.
    + intros j Hj. rewrite references_cons. by destruct (Nat.eqb_spec j i).
    + intros j [->|?]; auto.
  - pose proof (pending_put t i e (mkBacklog (queue e) (saturating_add u32_max (ref_count e) 1) (in_use e)) He) as Hp. cbn [queue] in Hp.
    by apply Permutation_app_inv_r in Hp.
Qed.

Lemma close_listener_ok i l1 l2 t (p : Table F D) t' p' : backlogs_ok t (l1 ++ i :: l2) -> dec_ref i t p = (t', p') ->
  backlogs_ok t' (l1 ++ l2) /\ pending t ≡ₚ lost i t ++ pending t'
  /\ p' = fold_left (fun p pc => abandon pc p) (lost i t) p.
Proof.
  intros Hok. pose proof Hok as [B1 B2 B3]. assert (In i (l1 ++ i :: l2)) as Hi by apply in_elt.
  destruct (lookup_lt_is_Some_2 _ _ (B3 i Hi)) as [e He]. destruct (B2 i e He) as [Hb Hu].
  unfold dec_ref, lost, live_backlog. rewrite He. destruct (in_use e) eqn:Eu.
  2: { apply references_pos in Hi. lia. }
  destruct Hu as [Hc Hr]. unfold saturating_sub.
  assert (references i (l1 ++ l2) = ref_count e - 1) as Hrest by (rewrite Hc, !references_app, references_cons, Nat.eqb_refl; lia).
  assert (forall j, j <> i -> references j (l1 ++ l2) = references j (l1 ++ i :: l2)) as Hother.
  { intros j Hj. rewrite !references_app, references_cons. by destruct (Nat.eqb_spec j i). }
  assert (forall j, In j (l1 ++ l2) -> j = i \/ In j (l1 ++ i :: l2)) as Hsub.
  { intros j. rewrite !in_app_iff. simpl. tauto. }
  destruct (Z.leb_spec (ref_count e) 1) as [H1|H1].
  - rewrite (proj2 (Z.eqb_eq _ 0)) by lia. intros [= <- <-]. split_and!; [| |done].
    + eapply relist_ok; try done. split; [done|]. simpl. split; [lia|done].
    + pose proof (pending_put t i e (mkBacklog IoBuffer.new (Z.max 0 (ref_count e - 1)) false) He) as Hp. simpl in Hp.
      rewrite app_nil_r in Hp. rewrite <- Hp. by rewrite Permutation_app_comm.
  - rewrite (proj2 (Z.eqb_neq _ 0)) by lia. intros [= <- <-]. split_and!; [| |done].
    + eapply relist_ok; try done. split; [done|]. rewrite Eu. simpl. lia.
    + pose proof (pending_put t i e (mkBacklog (queue e) (Z.max 0 (ref_count e - 1)) (in_use e)) He) as Hp. cbn [queue] in Hp.
      apply Permutation_app_inv_r in Hp. by rewrite Hp.
Qed.

Lemma prepare_push_ok mem i t l t' r : backlogs_ok t l -> prepare_push size_of_pending mem i t = Some (t', r) ->
  backlogs_ok t' l /\ pending t' ≡ₚ pending t
  /\ (r = Ok tt -> exists e, live_backlog t' i = Some e /\ IoBuffer.len (queue e) < IoBuffer.capacity (queue e)).
Proof.
  intros Hok. pose proof Hok as [B1 B2 B3]. unfold prepare_push. destruct (live_backlog t i) as [e|] eqn:El; [|by intros [= <- <-]].
  apply live_lookup in El as [Hi Hu]. destruct (B2 i e Hi) as [Hb Hs]. destruct (try_reserve_spec size_of_pending mem 1 (queue e)) as (q & r' & -> & R1 & R2 & R3 & R4).
  intros [= <- <-]. split_and!.
  - eapply put_ok; try done. rewrite Hu in *. split; [|done]. unfold buf_ok, IoBuffer.len in *. simpl. rewrite R1. lia.
  - pose proof (pending_put t i e (mkBacklog q (ref_count e) (in_use e)) Hi) as Hp. simpl in Hp. rewrite R1 in Hp. by apply Permutation_app_inv_r in Hp.
  - intros ->. specialize (R3 eq_refl). exists (mkBacklog q (ref_count e) (in_use e)). split.
    + apply live_lookup. split; [|done]. unfold backlog_slots. simpl. apply list_lookup_insert_eq. by eapply lookup_lt_Some.
    + unfold IoBuffer.len in *. simpl. rewrite R1. lia.
Qed.

Lemma publish_pending_ok i pc t l t' ok : backlogs_ok t l -> publish_pending i pc t = Some (t', ok) ->
  backlogs_ok t' l /\ pending t' ≡ₚ (if ok then pc :: pending t else pending t) /\ (ok = true <-> is_Some (live_backlog t i)).
Proof.
  intros Hok. pose proof Hok as [B1 B2 B3]. unfold publish_pending. destruct (live_backlog t i) as [e|] eqn:El.
  2: { intros [= <- <-]. split_and!; [done|done|]. split; [done|by intros []]. }
  apply live_lookup in El as [Hi Hu]. destruct (B2 i e Hi) as [Hb Hs]. unfold push. destruct (_ <? _) eqn:Hlt; [|done]. intros [= <- <-].
  to_prop. split_and!; [| |done].
  - eapply put_ok; try done. rewrite Hu in *. split; [|done]. unfold buf_ok, IoBuffer.len in *. simpl. rewrite length_app. simpl. lia.
  - pose proof (pending_put t i e (mkBacklog (mkIoBuffer (values (queue e) ++ [pc]) (IoBuffer.capacity (queue e))) (ref_count e) (in_use e)) Hi) as Hp.
    simpl in Hp. apply (Permutation_app_inv_r (values (queue e))). rewrite Hp. simpl. solve_Permutation.
Qed.

Lemma accept_pop_ok i t l t' r : backlogs_ok t l -> pop i t = (t', r) ->
  backlogs_ok t' l /\ pending t ≡ₚ (match r with Some pc => pc :: pending t' | None => pending t' end).
Proof.
  intros Hok. pose proof Hok as [B1 B2 B3]. unfold pop. destruct (live_backlog t i) as [e|] eqn:El; [|by intros [= <- <-]].
  apply live_lookup in El as [Hi Hu]. destruct (B2 i e Hi) as [Hb Hs]. destruct (values (queue e)) as [|pc rest] eqn:Eq; [by intros [= <- <-]|].
  intros [= <- <-]. split.
  - eapply put_ok; try done. rewrite Hu in *. split; [|done]. unfold buf_ok, IoBuffer.len in *. rewrite Eq in Hb. simpl in *. lia.
  - pose proof (pending_put t i e (mkBacklog (mkIoBuffer rest (IoBuffer.capacity (queue e))) (ref_count e) (in_use e)) Hi) as Hp.
    simpl in Hp. rewrite Eq in Hp. apply (Permutation_app_inv_r rest). rewrite <- Hp. solve_Permutation.
Qed.

Lemma find_pending_spec recv send token k sl i j : find_pending recv send token k sl = Some (i, j) ->
  exists e pc, (k <= i)%nat /\ sl !! (i - k)%nat = Some e /\ in_use e = true /\ values (queue e) !! j = Some pc /\ matches recv send token pc = true.
Proof.
  revert k. induction sl as [|e sl IH]; intros k; simpl; [done|]. destruct (in_use e) eqn:Eu; simpl.
  2: { intros (e' & pc & Hk & He & H)%IH. exists e', pc. split; [lia|]. replace (i - k)%nat with (S (i - S k)) by lia. by split. }
  destruct (position _ _) as [j'|] eqn:Ep.
  - intros [= <- <-]. apply position_Some in Ep as (pc & Hj & Hm & _). exists e, pc. rewrite Nat.sub_diag. by split_and!.
  - intros (e' & pc & Hk & He & H)%IH. exists e', pc. split; [lia|]. replace (i - k)%nat with (S (i - S k)) by lia. by split.
Qed.

Lemma cancel_ok recv send token t (p : Table F D) l t' p' ok : backlogs_ok t l ->
  cancel_injected_connection recv send token t p = (t', p', ok) ->
  backlogs_ok t' l /\ pending t ≡ₚ (if ok then withdrawn recv send token t ++ pending t' else pending t').
Proof.
  intros Hok. pose proof Hok as [B1 B2 B3]. unfold cancel_injected_connection, withdrawn. destruct (_ || _); [by intros [= <- <- <-]|].
  destruct (find_pending recv send token 0 (backlog_slots t)) as [[i j]|] eqn:Ef; [|by intros [= <- <- <-]].
  apply find_pending_spec in Ef as (e & pc & _ & Hi & Hu & Hj & _). rewrite Nat.sub_0_r in Hi. unfold live_backlog. rewrite Hi, Hu, Hj. intros [= <- <- <-].
  destruct (B2 i e Hi) as [Hb Hs]. rewrite Hu in *.
  assert (values (queue e) ≡ₚ pc :: remove_at j (values (queue e))) as Hsplit.
  { rewrite <- (take_drop_middle _ _ _ Hj) at 1. unfold remove_at. by rewrite Permutation_middle. }
  split.
  - eapply put_ok; try done. split; [|done]. unfold buf_ok, IoBuffer.len in *. simpl.
    apply Permutation_length in Hsplit. simpl in Hsplit. lia.
  - pose proof (pending_put t i e (mkBacklog (mkIoBuffer (remove_at j (values (queue e))) (IoBuffer.capacity (queue e))) (ref_count e) true) Hi) as Hp.
    simpl in Hp. apply (Permutation_app_inv_r (remove_at j (values (queue e)))). set (P' := pending (put_backlog _ _ _)) in *. clearbody P'.
    set (q := remove_at _ _) in *. clearbody q. rewrite <- Hp, Hsplit. solve_Permutation.
Qed.

Record accept_ok (s : Accept) : Prop := {
  ac_slots : backlogs_ok (accept_table s) (listeners s);
  ac_conserved : queued s ≡ₚ accepted s ++ abandoned s ++ cancelled s ++ pending (accept_table s);
}.

Lemma accept_step_ok s s' : accept_step s s' -> accept_ok s -> accept_ok s'.
Proof.
  intros H [Hok Hp]. destruct H as [mem t p l q a b c t' r E|i t p l q a b c Hi Hm|l1 i l2 t p q a b c t' p' E|mem i t p l q a b c t' r E
    |i pc t p l q a b c t' ok E|i t p l q a b c t' r E|recv send token t p l q a b c t' p' ok E];
    cbn [accept_table accept_pipes listeners queued accepted abandoned cancelled] in *.
  - destruct (alloc_ok _ _ _ _ _ Hok E) as [Hok' Hq]. split; cbn; [done|by rewrite Hq].
  - destruct (inherit_ok _ _ _ Hok Hi Hm) as [Hok' Hq]. split; cbn; [done|by rewrite Hq].
  - destruct (close_listener_ok _ _ _ _ _ _ _ Hok E) as (Hok' & Hq & _). split; cbn; [done|]. rewrite Hp, Hq. solve_Permutation.
  - destruct (prepare_push_ok _ _ _ _ _ _ Hok E) as (Hok' & Hq & _). split; cbn; [done|by rewrite Hq].
  - destruct (publish_pending_ok _ _ _ _ _ _ Hok E) as (Hok' & Hq & _). split; cbn; [done|]. rewrite Hq. destruct ok; [|done].
    rewrite Hp. solve_Permutation.
  - destruct (accept_pop_ok _ _ _ _ _ Hok E) as (Hok' & Hq). split; cbn; [done|]. rewrite Hp, Hq. destruct r; [solve_Permutation|done].
  - destruct (cancel_ok _ _ _ _ _ _ _ _ _ Hok E) as (Hok' & Hq). split; cbn; [done|]. rewrite Hp, Hq. destruct ok; [solve_Permutation|done].
Qed.

Lemma reachable_accept_ok p s : rtc accept_step (no_listeners p) s -> accept_ok s.
Proof.
  intros H. assert (accept_ok (no_listeners p)) as H0 by (split; [split; simpl; [done|done|done]|done]).
  revert H0. induction H; eauto using accept_step_ok.
Qed.

(** C10. A shared accept queue lives exactly as long as a listener of some process
    refers to it, and its count is exact. Every connection that was ever
    queued is in exactly one place: accepted once, by whichever process asked
    first, lost with the last listener, cancelled by the host, or still
    waiting. A prepared connection is queued without a panic. *)
Theorem connections_accepted_once p s : rtc accept_step (no_listeners p) s ->
  (forall i, is_Some (live_backlog (accept_table s) i) <-> In i (listeners s))
  /\ (forall i e, live_backlog (accept_table s) i = Some e -> ref_count e = references i (listeners s))
  /\ queued s ≡ₚ accepted s ++ abandoned s ++ cancelled s ++ pending (accept_table s)
  /\ (forall mem i t1 pc, prepare_push size_of_pending mem i (accept_table s) = Some (t1, Ok tt) ->
        exists t2, publish_pending i pc t1 = Some (t2, true)).
Proof.
  intros [Hok Hp]%reachable_accept_ok. pose proof Hok as [B1 B2 B3]. split; [|split; [|split]].
  - intros i. split.
    + intros [e [He Hu]%live_lookup]. destruct (B2 i e He) as [_ Hr]. rewrite Hu in Hr. apply references_pos. lia.
    + intros Hi. destruct (lookup_lt_is_Some_2 _ _ (B3 i Hi)) as [e He]. exists e. apply live_lookup. split; [done|].
      destruct (B2 i e He) as [_ Hr]. destruct (in_use e); [done|]. apply references_pos in Hi. lia.
  - intros i e [He Hu]%live_lookup. destruct (B2 i e He) as [_ Hr]. rewrite Hu in Hr. apply Hr.
  - done.
  - intros mem i t1 pc E. destruct (prepare_push_ok _ _ _ _ _ _ Hok E) as (Hok1 & _ & Hroom). destruct (Hroom eq_refl) as (e & He & Hlt).
    unfold publish_pending. rewrite He. destruct (push_spec pc (queue e) Hlt) as [-> _]. by eexists.
Qed.

(** The oldest connection is accepted first. *)
Theorem accept_is_fifo i e pc rest (t : SharedBacklogTable) : live_backlog t i = Some e -> values (queue e) = pc :: rest ->
  exists t' e', pop i t = (t', Some pc) /\ live_backlog t' i = Some e' /\ values (queue e') = rest
    /\ (forall j, j <> i -> live_backlog t' j = live_backlog t j)
    /\ forall pc' t2, publish_pending i pc' t' = Some (t2, true) ->
         exists e2, live_backlog t2 i = Some e2 /\ values (queue e2) = rest ++ [pc'].
Proof.
  intros Hl Hq. pose proof Hl as [Hi Hu]%live_lookup. pose proof (lookup_lt_Some _ _ _ Hi) as Hlt. unfold pop. rewrite Hl, Hq. set (e' := mkBacklog _ _ _).
  assert (live_backlog (put_backlog i e' t) i = Some e') as Hl'.
  { apply live_lookup. split; [|done]. unfold backlog_slots. simpl. by apply list_lookup_insert_eq. }
  exists (put_backlog i e' t), e'. split_and!; [done|done|done| |].
  - intros j Hj. unfold live_backlog, put_backlog, backlog_slots. simpl. by rewrite list_lookup_insert_ne.
  - intros pc' t2. unfold publish_pending. rewrite Hl'. unfold push. destruct (_ <? _); [|done]. intros [= <-]. eexists. split.
    + apply live_lookup. split; [unfold backlog_slots at 1; simpl; apply list_lookup_insert_eq; unfold backlog_slots; simpl; by rewrite length_insert|done].
    + done.
Qed.
End Accept.

(** A listener with one connection, shared with a child. *)
Definition witness_pending : PendingConnection := mkPending zero4 zero4 zero6 false 4000 7 None None 0 1 0.
Definition accept_after {A B} (o : option (A * B)) (default : A) : A := match o with Some (a, _) => a | None => default end.
Definition wb1 : SharedBacklogTable := accept_after (try_alloc 40 witness_mem no_backlogs) no_backlogs.
Definition wb2 : SharedBacklogTable := add_ref 0 wb1.
Definition wb3 : SharedBacklogTable := accept_after (prepare_push 96 witness_mem 0 wb2) wb2.
Definition wb4 : SharedBacklogTable := accept_after (publish_pending 0 witness_pending wb3) wb3.
Definition witness_accept : Accept (F := unit) (D := unit) :=
  mkAccept wb4 (mkTab new_table []) [0%nat; 0%nat] [witness_pending] [] [] [].

Lemma witness_accept_reachable : rtc (accept_step 40 96) (no_listeners (mkTab new_table [])) witness_accept.
Proof.
  eapply rtc_l; [refine (accept_listen 40 96 witness_mem no_backlogs _ [] [] [] [] [] wb1 (Ok 0%nat) _); vm_compute; reflexivity|].
  eapply rtc_l; [refine (accept_inherit 40 96 0 wb1 _ [0%nat] [] [] [] [] _ _); [left; reflexivity|vm_compute; reflexivity]|].
  eapply rtc_l; [refine (accept_prepare 40 96 witness_mem 0 wb2 _ [0%nat; 0%nat] [] [] [] [] wb3 (Ok tt) _); vm_compute; reflexivity|].
  apply rtc_once. refine (accept_connect 40 96 0 witness_pending wb3 _ [0%nat; 0%nat] [] [] [] [] wb4 true _). vm_compute. reflexivity.
Qed.

Lemma connections_accepted_once_witness : is_Some (live_backlog wb4 0).
Proof.
  destruct (connections_accepted_once 40 96 (mkTab new_table []) witness_accept witness_accept_reachable) as [H _].
  apply (H 0%nat). left. reflexivity.
Defined.

Lemma accept_is_fifo_witness : exists t', pop 0 wb4 = (t', Some witness_pending).
Proof.
  destruct (accept_is_fifo 0 (mkBacklog (mkIoBuffer [witness_pending] 4) 2 true) witness_pending [] wb4) as (t' & _ & H & _);
    [vm_compute; reflexivity|reflexivity|]. exists t'. exact H.
Defined.
