(* ===== verification/Names.v ===== *)
(** * Maps of paths (crates/runtime-core/src/fifo.rs, unix_socket.rs)

    Two registries keep, beside the file system, which path leads to which
    kernel object: the FIFO table (FifoTable.v) and the registry of local
    sockets (UnixRegistry.v). A rename in the file system moves the names of a
    whole subtree; it is prepared, which can fail for lack of memory, and
    published once the file system has done its part. This file has what both
    registries share.

    A [PreparedMap] with paths as keys is the list of its entries in the order
    of their keys. *)

From S2P Require Import Prelude IoBuffer.

(** ** Ordered maps of paths *)

Definition PathMap (V : Type) : Type := list (list Z * V).

(** [Ord] of byte vectors. *)
Fixpoint bytes_ltb (a b : list Z) : bool :=
  match a, b with
  | [], [] => false
  | [], _ :: _ => true
  | _ :: _, [] => false
  | x :: a, y :: b => (x <? y) || ((x =? y) && bytes_ltb a b)
  end.

Section PathMaps.
Context {V : Type}.
Implicit Types (m : PathMap V) (k : list Z).

Fixpoint find_name m k : option V :=
  match m with
  | [] => None
  | (k', v) :: m => if decide (k' = k) then Some v else find_name m k
  end.

Definition contains_key m k : bool := match find_name m k with Some _ => true | None => false end.

(** [insert_prepared]; the value it replaces is [find_name m k]. *)
Fixpoint put_name k (v : V) m : PathMap V :=
  match m with
  | [] => [(k, v)]
  | (k', v') :: m' =>
      if bytes_ltb k k' then (k, v) :: m
      else if decide (k' = k) then (k, v) :: m'
      else (k', v') :: put_name k v m'
  end.

(** [remove]; the value it returns is [find_name m k]. *)
Definition drop_name k m : PathMap V := List.filter (fun e => negb (bool_decide (fst e = k))) m.
End PathMaps.

(** ** Subtrees of the namespace *)

Definition slash : Z := 47.

Definition rebase_suffix (path oldpath : list Z) : option (list Z) :=
  if bool_decide (path = oldpath) then Some []
  else if bool_decide (take (length oldpath) path = oldpath) && bool_decide (path !! length oldpath = Some slash)
  then Some (drop (length oldpath) path)
  else None.

Definition contains_path (path prefix : list Z) : bool :=
  match rebase_suffix path prefix with Some _ => true | None => false end.

(** The outcomes of the allocations behind a prepared name of a length, and
    behind a copy of a path. *)
Record NameMemory : Type := mkNameMemory { entry_memory : Z -> result unit; copy_memory : Z -> result unit }.

(** [PreparedFifoName::from_parts], [PreparedUnixName::new]. *)
Definition from_parts {V} (mem : NameMemory) (prefix suffix : list Z) (v : V) : result (list Z * V) :=
  match checked_add usize_max (lenZ prefix) (lenZ suffix) with
  | None => Err ENOMEM
  | Some n =>
      match entry_memory mem n with
      | Err e => Err e
      | Ok _ => Ok (prefix ++ suffix, v)
      end
  end.

(** A name to remove with the entry to insert instead. *)
Notation Move V := (list Z * (list Z * V))%type (only parsing).
Record PreparedRename (V : Type) : Type := mkPreparedRename { moves : IoBuffer (Move V); displaced : option (list Z) }.
Arguments mkPreparedRename {V}. Arguments moves {V}. Arguments displaced {V}.

Section Renames.
Context {V : Type}.
Variable size_of_move : Z.
Implicit Types (m : PathMap V).

(** The loop over the entries; [w] is the value a prepared entry carries. *)
Fixpoint prepare_moves (w : V -> V) (mem : nat -> NameMemory) (oldpath newpath : list Z) m (out : IoBuffer (Move V))
    : option (result (IoBuffer (Move V))) :=
  match m with
  | [] => Some (Ok out)
  | (path, v) :: m =>
      let next := prepare_moves w (fun i => mem (S i)) oldpath newpath m in
      match rebase_suffix path oldpath with
      | None => next out
      | Some suffix =>
          match copy_memory (mem 0%nat) (lenZ path) with
          | Err e => Some (Err e)
          | Ok _ =>
              match from_parts (mem 0%nat) newpath suffix (w v) with
              | Err e => Some (Err e)
              | Ok new_entry =>
                  match push (path, new_entry) out with
                  | Some (out, _) => next out
                  | None => None
                  end
              end
          end
      end
  end.

Definition moved_count (oldpath : list Z) m : Z := lenZ (List.filter (fun e => contains_path (fst e) oldpath) m).

Definition prepare_rename_with (w : V -> V) (table_mem : Memory) (mem : nat -> NameMemory) (displaced_mem : NameMemory)
    (oldpath newpath : list Z) m : option (result (PreparedRename V)) :=
  match build (try_reserve_exact size_of_move table_mem (moved_count oldpath m)) with
  | None => None
  | Some (Err e) => Some (Err e)
  | Some (Ok out) =>
      match prepare_moves w mem oldpath newpath m out with
      | None => None
      | Some (Err e) => Some (Err e)
      | Some (Ok out) =>
          if (moved_count oldpath m =? 0) && contains_key m newpath
          then
            match copy_memory displaced_mem (lenZ newpath) with
            | Err e => Some (Err e)
            | Ok _ => Some (Ok (mkPreparedRename out (Some newpath)))
            end
          else Some (Ok (mkPreparedRename out None))
      end
  end.

(** The first loop of a publication: every source leaves the map. [check]
    says what is asserted of the value that was there; the entry is inserted
    with the value [install]. *)
Fixpoint take_sources (check : V -> V -> bool) (install : V -> V -> V) (l : list (Move V)) m
    : option (PathMap V * list (list Z * V)) :=
  match l with
  | [] => Some (m, [])
  | (old, (k, prepared)) :: l =>
      match find_name m old with
      | None => None
      | Some v =>
          if check prepared v then
            match take_sources check install l (drop_name old m) with
            | Some (m, entries) => Some (m, (k, install prepared v) :: entries)
            | None => None
            end
          else None
      end
  end.

(** The second loop, with the values of the entries it replaces. *)
Fixpoint insert_entries (l : list (list Z * V)) m : PathMap V * list V :=
  match l with
  | [] => (m, [])
  | (k, v) :: l =>
      let replaced := match find_name m k with Some v' => [v'] | None => [] end in
      let (m', rest) := insert_entries l (put_name k v m) in
      (m', replaced ++ rest)
  end.

Definition publish_rename_with (check : V -> V -> bool) (install : V -> V -> V) (p : PreparedRename V) m
    : option (PathMap V * list V) :=
  match take_sources check install (values (moves p)) m with
  | None => None
  | Some (m, entries) =>
      let (m, replaced) := insert_entries entries m in
      match displaced p with
      | None => Some (m, replaced)
      | Some path => Some (drop_name path m, replaced ++ match find_name m path with Some v => [v] | None => [] end)
      end
  end.
End Renames.
