(* ===== verification/NamesThms.v ===== *)
(** * Maps of paths: lemmas

    Lookup and order of the maps, and what a prepared and published rename does
    to the names of a subtree. *)

From S2P Require Import Prelude IoBuffer Names.

(** ** The order of the keys *)

Lemma bytes_ltb_irrefl a : bytes_ltb a a = false.
Proof. induction a as [|x a IH]; simpl; [done|]. by rewrite Z.ltb_irrefl, Z.eqb_refl. Qed.

Lemma bytes_ltb_trans a b c : bytes_ltb a b = true -> bytes_ltb b c = true -> bytes_ltb a c = true.
Proof.
  revert b c. induction a as [|x a IH]; intros [|y b] [|z c]; simpl; try done.
  rewrite !orb_true_iff, !andb_true_iff, !Z.ltb_lt, !Z.eqb_eq. intros [H1|[H1 H1']] [H2|[H2 H2']]; [left; lia..|].
  right. split; [lia|eauto].
Qed.

Lemma bytes_ltb_total a b : bytes_ltb a b = false -> a <> b -> bytes_ltb b a = true.
Proof.
  revert b. induction a as [|x a IH]; intros [|y b]; simpl; try done.
  rewrite orb_false_iff, andb_false_iff, Z.ltb_ge, Z.eqb_neq, orb_true_iff, andb_true_iff, Z.ltb_lt, Z.eqb_eq.
  intros [H1 H2] Hne. destruct (Z.eq_dec x y) as [->|]; [|left; lia]. right. split; [done|]. destruct H2 as [?|H2]; [done|].
  apply IH; [done|]. congruence.
Qed.

(** ** Ordered maps of paths *)

Section PathMaps.
Context {V : Type}.
Implicit Types (m : PathMap V) (k q : list Z) (l : list (list Z * V)).

Definition key_lt (a b : list Z * V) : Prop := bytes_ltb (fst a) (fst b) = true.
Definition sorted m : Prop := StronglySorted key_lt m.

Lemma find_put m k v q : find_name (put_name k v m) q = if decide (k = q) then Some v else find_name m q.
Proof.
  induction m as [|[k' v'] m IH]; simpl; [done|]. destruct (bytes_ltb k k'); [done|].
  destruct (decide (k' = k)) as [->|Hne]; simpl; [by repeat case_decide|]. rewrite IH. repeat case_decide; congruence.
Qed.

Lemma find_name_filter m (p : list Z -> bool) q : find_name (List.filter (fun e => p (fst e)) m) q = if p q then find_name m q else None.
Proof.
  induction m as [|[k v] m IH]; simpl; [by destruct (p q)|]. destruct (p k) eqn:E; simpl; rewrite IH; destruct (p q) eqn:Eq; try done;
    case_decide; congruence.
Qed.

Lemma find_drop m k q : find_name (drop_name k m) q = if decide (k = q) then None else find_name m q.
Proof.
  pose proof (find_name_filter m (fun x : list Z => negb (bool_decide (x = k))) q) as Hf. unfold drop_name. rewrite Hf. case_bool_decide; case_decide; simpl; congruence.
Qed.

Lemma filter_sorted (p : list Z * V -> bool) m : sorted m -> sorted (List.filter p m).
Proof.
  induction 1 as [|e m Hs IH Hall]; simpl; [constructor|]. destruct (p e); [|done]. constructor; [done|].
  rewrite List.Forall_forall in *. intros x [Hx _]%filter_In. auto.
Qed.

Lemma put_keys k v m x : In x (put_name k v m) -> x = (k, v) \/ In x m.
Proof.
  induction m as [|[k' v'] m IH]; simpl; [by intros [->|[]]; auto|]. destruct (bytes_ltb k k'); [intros [->|?]; auto|].
  case_decide; simpl; [intros [->|?]; auto|]. intros [->|Hx]; [auto|]. destruct (IH Hx); auto.
Qed.

Lemma put_sorted k v m : sorted m -> sorted (put_name k v m).
Proof.
  induction 1 as [|[k' v'] m Hs IH Hall]; simpl; [repeat constructor|]. destruct (bytes_ltb k k') eqn:E.
  - constructor; [by constructor|]. constructor; [done|]. rewrite List.Forall_forall in *. intros x Hx. unfold key_lt in *. simpl.
    eapply bytes_ltb_trans; [done|]. by apply (Hall x).
  - case_decide as Hk; [subst; by constructor|]. constructor; [done|]. rewrite List.Forall_forall in *.
    intros x [->|Hx]%put_keys; [|auto]. unfold key_lt. simpl. apply bytes_ltb_total; [done|congruence].
Qed.

Lemma sorted_keys m : sorted m -> List.NoDup (map fst m).
Proof.
  induction 1 as [|e m Hs IH Hall]; simpl; constructor; [|done]. intros (x & Hx & Hin)%in_map_iff. rewrite List.Forall_forall in Hall.
  specialize (Hall x Hin). unfold key_lt in Hall. by rewrite Hx, bytes_ltb_irrefl in Hall.
Qed.

Lemma find_in m k v : List.NoDup (map fst m) -> find_name m k = Some v <-> In (k, v) m.
Proof.
  induction m as [|[k' v'] m IH]; simpl; intros Hnd; [done|]. inversion Hnd as [|? ? Hn Hnd']; subst. specialize (IH Hnd'). case_decide as Hk.
  - subst. split; [by intros [= ->]; left|]. intros [[= ->]|Hin]; [done|]. exfalso. apply Hn. by apply (in_map fst) in Hin.
  - rewrite IH. split; [auto|]. intros [[= -> ->]|?]; done.
Qed.

Lemma find_in_keys m k : find_name m k = None <-> ~ In k (map fst m).
Proof.
  induction m as [|[k' v'] m IH]; simpl; [tauto|]. case_decide as Hk; [subst; split; [done|tauto]|]. rewrite IH. tauto.
Qed.

Lemma contains_key_iff m k : contains_key m k = true <-> is_Some (find_name m k).
Proof. unfold contains_key. destruct (find_name m k); split; [by eauto|done|done|by intros [? ?]]. Qed.

(** The values of a map, with the one replaced by a new entry. *)
Definition found m k : list V := match find_name m k with Some v => [v] | None => [] end.

Lemma values_put k v m : sorted m -> map snd (put_name k v m) ++ found m k ≡ₚ v :: map snd m.
Proof.
  unfold found. induction 1 as [|[k' v'] m Hs IH Hall]; simpl; [done|]. destruct (bytes_ltb k k') eqn:E.
  - assert (find_name ((k', v') :: m) k = None) as Hf; [|simpl in Hf; rewrite Hf; simpl; by rewrite app_nil_r].
    apply find_in_keys. intros (x & Hx & [<-|Hin])%in_map_iff; [simpl in Hx; subst; by rewrite bytes_ltb_irrefl in E|].
    rewrite List.Forall_forall in Hall. specialize (Hall x Hin). unfold key_lt in Hall. simpl in Hall. subst.
    pose proof (bytes_ltb_trans _ _ _ E Hall) as Ht. by rewrite bytes_ltb_irrefl in Ht.
  - case_decide as Hk; simpl; [solve_Permutation|]. rewrite IH. solve_Permutation.
Qed.

Lemma values_drop k m : sorted m -> map snd (drop_name k m) ++ found m k ≡ₚ map snd m.
Proof.
  unfold found, drop_name. induction 1 as [|[k' v'] m Hs IH Hall]; simpl; [done|]. case_bool_decide as Hk; simpl.
  - rewrite decide_True by done. subst. assert (find_name m k = None) as Hf.
    { apply find_in_keys. intros (x & Hx & Hin)%in_map_iff. rewrite List.Forall_forall in Hall. specialize (Hall x Hin).
      unfold key_lt in Hall. simpl in Hall. rewrite Hx, bytes_ltb_irrefl in Hall. done. }
    rewrite Hf, app_nil_r in IH. rewrite IH. solve_Permutation.
  - rewrite decide_False by done. rewrite IH. done.
Qed.

(** ** The two loops of a publication *)

Lemma insert_entries_spec l m : sorted m -> List.NoDup (map fst l) ->
  let (m', replaced) := insert_entries l m in
  sorted m' /\ (forall q, find_name m' q = match find_name l q with Some v => Some v | None => find_name m q end)
  /\ map snd m' ++ replaced ≡ₚ map snd l ++ map snd m.
Proof.
  revert m. induction l as [|[k v] l IH]; intros m Hs Hnd; simpl; [split_and!; [done|done|by rewrite app_nil_r]|].
  inversion Hnd as [|? ? Hn Hnd']; subst. specialize (IH (put_name k v m) (put_sorted k v m Hs) Hnd').
  destruct (insert_entries l (put_name k v m)) as [m' rest]. destruct IH as (H1 & H2 & H3). split_and!; [done| |].
  - intros q. rewrite H2, find_put. destruct (decide (k = q)) as [->|Hne]; [|done].
    by rewrite (proj2 (find_in_keys l q)) by done.
  - fold (found m k). rewrite (Permutation_app_comm (found m k)), (assoc_L (++)), H3, <- (assoc_L (++)), (values_put k v m Hs). solve_Permutation.
Qed.
End PathMaps.

(** ** Subtrees *)

Definition below_slash (s : list Z) : Prop := s = [] \/ exists t, s = slash :: t.

Lemma rebase_suffix_iff p old s : rebase_suffix p old = Some s <-> p = old ++ s /\ below_slash s.
Proof.
  unfold rebase_suffix, below_slash. case_bool_decide as He.
  - subst. split; [intros [= <-]; by rewrite app_nil_r; auto|]. intros [Hp _]. f_equal.
    apply (app_inv_head old). by rewrite app_nil_r.
  - split.
    + destruct (_ && _) eqn:E; [|done]. apply andb_true_iff in E as [Ht%bool_decide_eq_true Hs%bool_decide_eq_true]. intros [= <-].
      assert (p = old ++ drop (length old) p) as Hp by (rewrite <- Ht at 1; by rewrite take_drop). split; [done|]. right.
      rewrite Hp, lookup_app_r, Nat.sub_diag in Hs by lia. destruct (drop (length old) p) as [|x t]; [done|]. injection Hs as ->. by eexists.
    + intros [-> [->|(t & ->)]]; [by rewrite app_nil_r in He|]. rewrite take_app_length, drop_app_length, lookup_app_r, Nat.sub_diag by lia.
      by rewrite !bool_decide_true by done.
Qed.

Lemma rebase_app old s : below_slash s -> rebase_suffix (old ++ s) old = Some s.
Proof. intros Hs. by apply rebase_suffix_iff. Qed.

Lemma contains_path_iff p old : contains_path p old = true <-> exists s, p = old ++ s /\ below_slash s.
Proof.
  unfold contains_path. destruct (rebase_suffix p old) as [s|] eqn:E.
  - split; [|done]. intros _. exists s. by apply rebase_suffix_iff.
  - split; [done|]. intros (s & Hs). apply rebase_suffix_iff in Hs. congruence.
Qed.

Section Renames.
Context {V : Type}.
Variable size : Z.
Implicit Types (m : PathMap V) (old new k q : list Z).

(** The names of the subtree, with what is behind the old path. *)
Definition below_old old m : list (list Z * list Z * V) :=
  flat_map (fun e => match rebase_suffix (fst e) old with Some s => [(fst e, s, snd e)] | None => [] end) m.

Definition move_of (w : V -> V) new (x : list Z * list Z * V) : Move V := (fst (fst x), (new ++ snd (fst x), w (snd x))).

Lemma in_below_old old m p s v : In (p, s, v) (below_old old m) <-> In (p, v) m /\ p = old ++ s /\ below_slash s.
Proof.
  unfold below_old. rewrite in_flat_map. split.
  - intros ([p' v'] & Hin & Hx). simpl in Hx. destruct (rebase_suffix p' old) as [s'|] eqn:E; [|done]. destruct Hx as [[= -> -> ->]|[]].
    apply rebase_suffix_iff in E. by destruct E.
  - intros (Hin & Hp & Hs). exists (p, v). split; [done|]. simpl. rewrite Hp, rebase_app by done. by left.
Qed.

Lemma below_old_count old m : lenZ (below_old old m) = moved_count old m.
Proof.
  unfold moved_count, below_old, contains_path. induction m as [|[p v] m IH]; simpl; [done|]. rewrite length_app.
  destruct (rebase_suffix p old); simpl in *; lia.
Qed.

Lemma below_old_keys old m : List.NoDup (map fst m) -> List.NoDup (map (fun x => fst (fst x)) (below_old old m)).
Proof.
  induction m as [|[p v] m IH]; simpl; intros Hnd; [constructor|]. inversion Hnd as [|? ? Hn Hnd']; subst. specialize (IH Hnd').
  destruct (rebase_suffix p old) as [s|]; simpl; [|done]. constructor; [|done]. intros ([[p' s'] v'] & Hp & Hin)%in_map_iff. simpl in Hp.
  subst p'. apply in_below_old in Hin as (Hin & _). apply Hn. by apply (in_map fst) in Hin.
Qed.

(** The prepared list is the list of the moves; the reserved buffer holds it. *)
Lemma prepare_moves_spec w mem old new m out : len out + moved_count old m <= capacity out ->
  exists r, prepare_moves w mem old new m out = Some r
    /\ forall out', r = Ok out' -> values out' = values out ++ map (move_of w new) (below_old old m).
Proof.
  revert mem out. induction m as [|[p v] m IH]; intros mem out Hc; cbn [prepare_moves].
  - exists (Ok out). split; [done|]. intros ? [= <-]. simpl. by rewrite app_nil_r.
  - unfold moved_count, contains_path in *. simpl in *. destruct (rebase_suffix p old) as [s|] eqn:E; [|apply IH; lia].
    destruct (copy_memory _ _); [|by eexists; split]. unfold from_parts. destruct (checked_add _ _ _); [|by eexists; split].
    destruct (entry_memory _ _); [|by eexists; split]. unfold push. cbn [length] in Hc.
    rewrite (proj2 (Z.ltb_lt (len out) (capacity out))) by lia.
    set (out1 := mkIoBuffer _ _). destruct (IH (fun i => mem (S i)) out1) as (r & Hr & Hv).
    { unfold len, out1 in *. simpl in *. rewrite length_app. simpl. lia. }
    exists r. split; [done|]. intros out' ->. rewrite (Hv out' eq_refl). unfold out1. simpl. by rewrite <- app_assoc.
Qed.

Lemma prepare_rename_with_spec w table_mem mem displaced_mem old new m :
  exists r, prepare_rename_with size w table_mem mem displaced_mem old new m = Some r
    /\ forall p, r = Ok p -> values (moves p) = map (move_of w new) (below_old old m)
         /\ displaced p = if (moved_count old m =? 0) && contains_key m new then Some new else None.
Proof.
  unfold prepare_rename_with, build.
  destruct (try_reserve_exact_spec size table_mem (moved_count old m) (@IoBuffer.new (Move V))) as (out & [[]|e] & -> & Hv & _ & Hc & _);
    [|by eexists; split].
  specialize (Hc eq_refl). destruct (prepare_moves_spec w mem old new m out) as ([out'|e] & -> & Hm).
  { unfold len in *. rewrite Hv in *. done. }
  - specialize (Hm out' eq_refl). rewrite Hv in Hm. destruct (_ && _) eqn:E; [destruct (copy_memory _ _)|]; eexists; (split; [done|]); try done;
      by intros p [= <-].
  - by eexists; split.
Qed.

(** Taking the sources of entries that are in the map. *)
Lemma take_sources_spec check install w new (l : list (list Z * list Z * V)) m :
  List.NoDup (map (fun x => fst (fst x)) l) ->
  (forall p s v, In (p, s, v) l -> find_name m p = Some v /\ check (w v) v = true /\ install (w v) v = v) ->
  take_sources check install (map (move_of w new) l) m
  = Some (List.filter (fun e => negb (bool_decide (fst e ∈ map (fun x => fst (fst x)) l))) m, map (fun x => (new ++ snd (fst x), snd x)) l).
Proof.
  revert m. induction l as [|[[p s] v] l IH]; intros m Hnd Hl; cbn [map take_sources move_of fst snd].
  - f_equal. f_equal. symmetry. rewrite List.filter_ext_in with (g := fun _ => true); [by rewrite List.filter_true|].
    intros e _. rewrite bool_decide_false; [done|]. apply not_elem_of_nil.
  - inversion Hnd as [|? ? Hn Hnd']; subst. destruct (Hl p s v (or_introl eq_refl)) as (Hf & Hc & Hi). cbv zeta.
    rewrite Hf, Hc, IH; [|done|].
    + f_equal. f_equal; [|by rewrite Hi]. unfold drop_name. clear. induction m as [|e m IH]; simpl; [done|].
      case_bool_decide as He; simpl.
      * rewrite bool_decide_true; [done|]. rewrite He. by left.
      * rewrite IH. erewrite bool_decide_ext; [done|]. rewrite elem_of_cons. tauto.
    + intros p' s' v' Hin. destruct (Hl p' s' v' (or_intror Hin)) as (Hf' & Hrest). split; [|done]. rewrite find_drop.
      rewrite decide_False; [done|]. intros ->. apply Hn. by apply (in_map (fun x => fst (fst x))) in Hin.
Qed.

(** What a path leads to after the rename of [old] to [new]: what was at the
    same place below the old path; nothing, if it was below it itself or if an
    object without a registered name replaced it; otherwise what was there. *)
Definition renamed old new m q : option V :=
  let rest := if contains_path q old then None
              else if bool_decide (q = new) && (moved_count old m =? 0) then None
              else find_name m q in
  match rebase_suffix q new with
  | Some s => match find_name m (old ++ s) with Some v => Some v | None => rest end
  | None => rest
  end.

Definition moved_entries old new m : list (list Z * V) := map (fun x => (new ++ snd (fst x), snd x)) (below_old old m).

Lemma moved_entries_keys old new m : List.NoDup (map fst m) -> List.NoDup (map fst (moved_entries old new m)).
Proof.
  intros Hnd. pose proof (below_old_keys old m Hnd) as Hk. unfold moved_entries. rewrite map_map. simpl.
  assert (forall x, In x (below_old old m) -> fst (fst x) = old ++ snd (fst x)) as Hx.
  { intros [[p s] v] Hin. by apply in_below_old in Hin as (_ & -> & _). }
  revert Hk Hx. generalize (below_old old m) as l. induction l as [|[[p s] v] l IH]; simpl; intros Hk Hx; [constructor|].
  inversion Hk as [|? ? Hn Hk']; subst. constructor; [|auto]. intros ([[p' s'] v'] & Hs & Hin)%in_map_iff. simpl in Hs.
  apply app_inv_head in Hs as ->. apply Hn. apply in_map_iff. exists (p', s, v'). split; [|done]. simpl.
  pose proof (Hx _ (or_introl eq_refl)) as H1. pose proof (Hx _ (or_intror Hin)) as H2. simpl in *. congruence.
Qed.

Lemma find_moved old new m q : List.NoDup (map fst m) ->
  find_name (moved_entries old new m) q = match rebase_suffix q new with Some s => find_name m (old ++ s) | None => None end.
Proof.
  intros Hnd. apply option_eq. intros v. rewrite find_in by (by apply moved_entries_keys). unfold moved_entries. rewrite in_map_iff. split.
  - intros ([[p s] v'] & [= <- ->] & (Hin & -> & Hs)%in_below_old). rewrite rebase_app by done. by apply find_in.
  - destruct (rebase_suffix q new) as [s|] eqn:E; [|done]. apply rebase_suffix_iff in E as [-> Hs]. intros Hin. exists (old ++ s, s, v).
    split; [done|]. apply in_below_old. split; [by apply find_in|done].
Qed.

Lemma moved_left old m : List.NoDup (map fst m) ->
  List.filter (fun e => negb (bool_decide (fst e ∈ map (fun x => fst (fst x)) (below_old old m)))) m
  = List.filter (fun e => negb (contains_path (fst e) old)) m.
Proof.
  intros Hnd. apply List.filter_ext_in. intros [p v] Hin. f_equal. simpl. apply eq_bool_prop_intro. rewrite bool_decide_spec, Is_true_true, contains_path_iff.
  rewrite list_elem_of_In, in_map_iff. split.
  - intros ([[p' s] v'] & <- & (_ & -> & Hs)%in_below_old). by exists s.
  - intros (s & -> & Hs). exists (old ++ s, s, v). split; [done|]. by apply in_below_old.
Qed.

Lemma moved_values old new m : map snd (moved_entries old new m) ++ map snd (List.filter (fun e => negb (contains_path (fst e) old)) m) ≡ₚ map snd m.
Proof.
  unfold moved_entries. rewrite map_map. simpl. induction m as [|[p v] m IH]; simpl; [done|]. unfold contains_path in *.
  destruct (rebase_suffix p old) as [s|]; simpl; [by rewrite IH|]. rewrite <- Permutation_middle. by rewrite IH.
Qed.

Lemma publish_rename_with_spec check install w old new m p : sorted m ->
  (forall v, check (w v) v = true /\ install (w v) v = v) ->
  values (moves p) = map (move_of w new) (below_old old m) ->
  displaced p = (if (moved_count old m =? 0) && contains_key m new then Some new else None) ->
  exists m' replaced, publish_rename_with check install p m = Some (m', replaced) /\ sorted m'
    /\ (forall q, find_name m' q = renamed old new m q) /\ map snd m' ++ replaced ≡ₚ map snd m.
Proof.
  intros Hs Hw Hm Hd. pose proof (sorted_keys m Hs) as Hnd. unfold publish_rename_with. rewrite Hm, take_sources_spec; cycle 1.
  { by apply below_old_keys. }
  { intros p' s v (Hin & _)%in_below_old. split; [by apply find_in|done]. }
  rewrite moved_left by done. fold (moved_entries old new m). set (m1 := List.filter _ m). assert (sorted m1) as Hs1 by (by apply filter_sorted).
  assert (forall q, find_name m1 q = if contains_path q old then None else find_name m q) as Hf1.
  { intros q. unfold m1. rewrite (find_name_filter m (fun k => negb (contains_path k old))). by destruct (contains_path q old). }
  pose proof (insert_entries_spec (moved_entries old new m) m1 Hs1 (moved_entries_keys old new m Hnd)) as Hins.
  destruct (insert_entries (moved_entries old new m) m1) as [m2 replaced]. destruct Hins as (Hs2 & Hf2 & Hp2).
  pose proof (moved_values old new m) as Hmv. fold m1 in Hmv. rewrite Hmv in Hp2. rewrite Hd. unfold renamed.
  assert (forall q, find_name m2 q = match rebase_suffix q new with Some s => match find_name m (old ++ s) with Some v => Some v
    | None => if contains_path q old then None else find_name m q end | None => if contains_path q old then None else find_name m q end) as Hf.
  { intros q. rewrite Hf2, find_moved, Hf1 by done. by destruct (rebase_suffix q new). }
  clear Hf2 Hf1. destruct (Z.eqb_spec (moved_count old m) 0) as [Hz|Hz]; simpl.
  - destruct (contains_key m new) eqn:Hc.
    + eexists _, _. split; [done|]. split; [by apply filter_sorted|]. split; [|rewrite (assoc_L (++)); rewrite <- Hp2;
        rewrite <- (assoc_L (++)), (Permutation_app_comm replaced), (assoc_L (++)); fold (found m2 new); by rewrite values_drop].
      intros q. rewrite find_drop, Hf. case_decide as Hq; [subst q|rewrite (bool_decide_false (q = new)) by congruence; done].
      rewrite bool_decide_true by done. simpl. assert (forall s, find_name m (old ++ s) = None \/ ~ below_slash s) as Hno.
      { intros s. destruct (find_name m (old ++ s)) as [v|] eqn:E; [|by left]. right. intros Hsl. apply find_in in E; [|done].
        assert (In (old ++ s, s, v) (below_old old m)) as Hin by (by apply in_below_old). rewrite <- below_old_count in Hz.
        destruct (below_old old m); [done|simpl in Hz; lia]. }
      destruct (rebase_suffix new new) as [s|] eqn:E; [|by destruct (contains_path new old)]. apply rebase_suffix_iff in E as [_ Hsl].
      destruct (Hno s) as [->|?]; [|done]. by destruct (contains_path new old).
    + eexists _, _. split; [done|]. split_and!; [done| |done]. intros q. rewrite Hf. case_bool_decide as Hq; [|done]. subst q. simpl.
      assert (find_name m new = None) as -> by (unfold contains_key in Hc; by destruct (find_name m new)). by destruct (contains_path new old).
  - eexists _, _. split; [done|]. split_and!; [done| |done]. intros q. rewrite Hf. by rewrite andb_false_r.
Qed.
End Renames.

(** Memory that is always granted, and two paths, for the witnesses. *)
Definition granted : NameMemory := mkNameMemory (fun _ => Ok tt) (fun _ => Ok tt).
Definition path_a : list Z := [47; 97].
Definition path_b : list Z := [47; 98].
