(* ===== verification/FifoTable.v ===== *)
(** * The FIFO table (crates/runtime-core/src/fifo.rs)

    A name of a FIFO leads to the pipe behind it; a FIFO can have several. *)

From S2P Require Import Prelude IoBuffer Names.

Section Fifo.
Variable size_of_move : Z.

(** A name leads to the index of a pipe. *)
Definition FifoTable : Type := PathMap nat.

Definition prepare_registration (mem : NameMemory) (t : FifoTable) (path : list Z) (pipe_idx : nat) : result (list Z * nat) :=
  if contains_key t path then Err EEXIST else from_parts mem path [] pipe_idx.

Definition publish_registration (prepared : list Z * nat) (t : FifoTable) : FifoTable * bool :=
  if contains_key t (fst prepared) then (t, false) else (put_name (fst prepared) (snd prepared) t, true).

(** All names of a table into another one; a name that is taken is a panic. *)
Fixpoint publish_into (t destination : FifoTable) : option FifoTable :=
  match t with
  | [] => Some destination
  | e :: t =>
      match publish_registration e destination with
      | (destination, true) => publish_into t destination
      | (_, false) => None
      end
  end.

Definition lookup (t : FifoTable) (path : list Z) : option nat := find_name t path.

Definition lookup_child (t : FifoTable) (directory name : list Z) : option nat :=
  let separator := if (1 <? lenZ directory) then [slash] else [] in
  find_name t (directory ++ separator ++ name).

Definition path_for_pipe (mem : NameMemory) (t : FifoTable) (pipe_idx : nat) : result (option (list Z)) :=
  match List.find (fun e => (snd e =? pipe_idx)%nat) t with
  | None => Ok None
  | Some e =>
      match copy_memory mem (lenZ (fst e)) with
      | Ok _ => Ok (Some (fst e))
      | Err err => Err err
      end
  end.

Definition remove (path : list Z) (t : FifoTable) : FifoTable * option nat := (drop_name path t, find_name t path).

Definition retain (keep : list Z -> nat -> bool) (t : FifoTable) : FifoTable := List.filter (fun e => keep (fst e) (snd e)) t.

Fixpoint remove_names (names : list (list Z)) (t : FifoTable) : FifoTable * list nat :=
  match names with
  | [] => (t, [])
  | name :: names =>
      let (t, r) := remove name t in
      let (t', rest) := remove_names names t in
      (t', match r with Some i => i :: rest | None => rest end)
  end.

Definition remove_under (prefix : list Z) (t : FifoTable) : FifoTable * list nat :=
  remove_names (List.filter (fun path => contains_path path prefix) (map fst t)) t.

(** Two names of one FIFO: the rename of a hard link onto another does
    nothing. *)
Definition prepare_rename (table_mem : Memory) (mem : nat -> NameMemory) (displaced_mem : NameMemory) (t : FifoTable)
    (oldpath newpath : list Z) : option (result (PreparedRename nat)) :=
  let old_pipe := lookup t oldpath in
  if bool_decide (oldpath = newpath) || (match old_pipe with Some _ => true | None => false end && bool_decide (old_pipe = lookup t newpath))
  then Some (Ok (mkPreparedRename new None))
  else prepare_rename_with size_of_move id table_mem mem displaced_mem oldpath newpath t.

(** The pipes of the names that were replaced are handed to the caller. *)
Definition publish_rename (prepared : PreparedRename nat) (t : FifoTable) : option (FifoTable * list nat) :=
  publish_rename_with (fun prepared v => (v =? prepared)%nat) (fun prepared _ => prepared) prepared t.
End Fifo.
