(* ===== verification/FifoThms.v ===== *)
(** * The FIFO table: theorems *)

From S2P Require Import Prelude IoBuffer Names NamesThms FifoTable.

(** The table with every pipe a name was made for, and the pipes of the names
    handed back to a caller, which drops one name of each. *)
Record FifoState : Type := mkFifoState { table : FifoTable; named : list nat; returned : list nat }.

Inductive fifo_step (size : Z) : FifoState -> FifoState -> Prop :=
  | fifo_register mem t named gone path idx prepared t' :
      prepare_registration mem t path idx = Ok prepared -> publish_registration prepared t = (t', true) ->
      fifo_step size (mkFifoState t named gone) (mkFifoState t' (idx :: named) gone)
  | fifo_remove t named gone path t' idx :
      remove path t = (t', Some idx) -> fifo_step size (mkFifoState t named gone) (mkFifoState t' named (idx :: gone))
  | fifo_remove_under t named gone prefix t' l :
      remove_under prefix t = (t', l) -> fifo_step size (mkFifoState t named gone) (mkFifoState t' named (l ++ gone))
  | fifo_rename table_mem mem displaced_mem t named gone old new prepared t' l :
      prepare_rename size table_mem mem displaced_mem t old new = Some (Ok prepared) -> publish_rename prepared t = Some (t', l) ->
      fifo_step size (mkFifoState t named gone) (mkFifoState t' named (l ++ gone)).

(** Nothing is renamed: one path, or two names of one FIFO. *)
Definition same_fifo (t : FifoTable) (old new : list Z) : bool :=
  bool_decide (old = new) || (match lookup t old with Some _ => true | None => false end && bool_decide (lookup t old = lookup t new)).

Lemma fifo_rename_spec size table_mem mem displaced_mem (t : FifoTable) old new : sorted t ->
  exists res, prepare_rename size table_mem mem displaced_mem t old new = Some res
    /\ forall p, res = Ok p -> exists t' lost, publish_rename p t = Some (t', lost) /\ sorted t'
         /\ (forall q, lookup t' q = if same_fifo t old new then lookup t q else renamed old new t q)
         /\ map snd t' ++ lost ≡ₚ map snd t.
Proof.
  intros Hs. unfold prepare_rename. fold (same_fifo t old new). destruct (same_fifo t old new).
  - eexists. split; [done|]. intros p [= <-]. eexists t, []. split_and!; [done..|]. by rewrite app_nil_r.
  - destruct (prepare_rename_with_spec size id table_mem mem displaced_mem old new t) as (res & -> & Hp). exists res. split; [done|].
    intros p ->. destruct (Hp p eq_refl) as [Hm Hd].
    apply (publish_rename_with_spec (fun a v => (v =? a)%nat) (fun a _ => a) id old new t p Hs); [|done..].
    intros v. split; [apply Nat.eqb_refl|done].
Qed.

Lemma remove_names_spec names (t : FifoTable) : sorted t ->
  let (t', l) := remove_names names t in
  sorted t' /\ map snd t' ++ l ≡ₚ map snd t /\ forall q, lookup t' q = if decide (q ∈ names) then None else lookup t q.
Proof.
  revert t. induction names as [|name names IH]; intros t Hs; cbn [remove_names remove].
  - split_and!; [done|by rewrite app_nil_r|]. intros q. by rewrite decide_False by (apply not_elem_of_nil).
  - specialize (IH (drop_name name t) (filter_sorted _ t Hs)). unfold remove. destruct (remove_names names (drop_name name t)) as [t' l].
    destruct IH as (H1 & H2 & H3). split_and!; [done| |].
    + pose proof (values_drop name t Hs) as Hv. unfold found in Hv. rewrite <- Hv, <- H2. destruct (find_name t name); solve_Permutation.
    + intros q. rewrite H3. unfold lookup. rewrite find_drop. repeat case_decide; set_solver.
Qed.

Lemma fifo_step_sorted size s s' : fifo_step size s s' -> sorted (table s) /\ named s ≡ₚ map snd (table s) ++ returned s ->
  sorted (table s') /\ named s' ≡ₚ map snd (table s') ++ returned s'.
Proof.
  intros Hstep [Hs Hp]. destruct Hstep as [mem t named gone path idx prepared t' Hprep Hpub|t named gone path t' idx Hr|t named gone prefix t' l Hr|
    table_mem mem displaced_mem t named gone old new prepared t' l Hprep Hpub]; simpl in *.
  - unfold prepare_registration, from_parts in Hprep. destruct (contains_key t path) eqn:Hc; [done|]. destruct (checked_add _ _ _); [|done].
    destruct (entry_memory _ _); [|done]. injection Hprep as <-. unfold publish_registration in Hpub. simpl in Hpub. rewrite app_nil_r, Hc in Hpub.
    injection Hpub as <-. split; [by apply put_sorted|]. pose proof (values_put path idx t Hs) as Hv. unfold found, contains_key in *.
    destruct (find_name t path); [done|]. rewrite app_nil_r in Hv. rewrite Hv, Hp. done.
  - injection Hr as <- Hi. split; [by apply filter_sorted|]. pose proof (values_drop path t Hs) as Hv. unfold found in Hv. rewrite Hi in Hv.
    rewrite Hp, <- Hv. solve_Permutation.
  - pose proof (remove_names_spec (List.filter (fun path => contains_path path prefix) (map fst t)) t Hs) as Hspec. unfold remove_under in Hr.
    rewrite Hr in Hspec. destruct Hspec as (H1 & H2 & _). split; [done|]. rewrite Hp, <- H2. solve_Permutation.
  - destruct (fifo_rename_spec size table_mem mem displaced_mem t old new Hs) as (res & E & Hp'). rewrite Hprep in E. injection E as <-.
    destruct (Hp' prepared eq_refl) as (t1 & lost & E & H1 & _ & H2). rewrite Hpub in E. injection E as <- <-. split; [done|].
    rewrite Hp, <- H2. solve_Permutation.
Qed.

Lemma fifo_reachable size s : rtc (fifo_step size) (mkFifoState [] [] []) s -> sorted (table s) /\ named s ≡ₚ map snd (table s) ++ returned s.
Proof.
  intros H. assert (sorted (table (mkFifoState [] [] [])) /\ named (mkFifoState [] [] []) ≡ₚ map snd (table (mkFifoState [] [] [])) ++ returned (mkFifoState [] [] [])) as H0
    by (split; [constructor|done]).
  revert H0. induction H; eauto using fifo_step_sorted.
Qed.

(** However names of FIFOs are made, removed with their directory and
    renamed, every name that was made is in the table or its pipe was handed
    back exactly once, so that the pipe loses one name for it. A rename never
    panics; it moves the names below the old path to the same place below the
    new one, drops the name it replaces and keeps every other, and does
    nothing between two names of one FIFO. A tree that is removed takes
    exactly the names at and below its path with it. *)
Theorem fifo_names_exact size s : rtc (fifo_step size) (mkFifoState [] [] []) s ->
  named s ≡ₚ map snd (table s) ++ returned s
  /\ (forall table_mem mem displaced_mem old new, exists res,
        prepare_rename size table_mem mem displaced_mem (table s) old new = Some res
        /\ forall p, res = Ok p -> exists t' lost, publish_rename p (table s) = Some (t', lost)
             /\ (forall q, lookup t' q = if same_fifo (table s) old new then lookup (table s) q else renamed old new (table s) q)
             /\ map snd t' ++ lost ≡ₚ map snd (table s))
  /\ (forall prefix, exists t' lost, remove_under prefix (table s) = (t', lost)
        /\ (forall q, lookup t' q = if contains_path q prefix then None else lookup (table s) q)
        /\ map snd t' ++ lost ≡ₚ map snd (table s)).
Proof.
  intros [Hs Hp]%fifo_reachable. split_and!; [done| |].
  - intros table_mem mem displaced_mem old new. destruct (fifo_rename_spec size table_mem mem displaced_mem (table s) old new Hs) as (res & E & Hr).
    exists res. split; [done|]. intros p Hok. destruct (Hr p Hok) as (t' & lost & ? & _ & ? & ?). by exists t', lost.
  - intros prefix. pose proof (remove_names_spec (List.filter (fun path => contains_path path prefix) (map fst (table s))) (table s) Hs) as Hspec.
    unfold remove_under. destruct (remove_names _ _) as [t' lost]. destruct Hspec as (_ & Hv & Hl). exists t', lost. split_and!; [done| |done].
    intros q. rewrite Hl. destruct (contains_path q prefix) eqn:E; case_decide as Hin; try done.
    + unfold lookup. apply find_in_keys. intros Hk. apply Hin. by apply list_elem_of_In, filter_In.
    + apply list_elem_of_In, filter_In in Hin. destruct Hin. congruence.
Qed.

Definition wf1 : FifoState := mkFifoState [(path_a, 3%nat)] [3%nat] [].

Lemma wf1_reachable : rtc (fifo_step 64) (mkFifoState [] [] []) wf1.
Proof.
  apply rtc_once. refine (fifo_register 64 granted [] [] [] path_a 3 (path_a, 3%nat) _ _ _); vm_compute; reflexivity.
Qed.

Lemma fifo_names_exact_witness : named wf1 ≡ₚ map snd (table wf1) ++ returned wf1.
Proof. exact (proj1 (fifo_names_exact 64 wf1 wf1_reachable)). Defined.
