(* ===== verification/UnixRegistry.v ===== *)
(** * The registry of local sockets (crates/runtime-core/src/unix_socket.rs)

    A path of the file system, or an abstract name, which begins with a zero
    byte, leads to the sockets that are bound to it: the one that was bound
    and its copies in the children of its process. *)

From S2P Require Import Prelude IoBuffer Names.

Notation Owner := (Z * nat)%type (only parsing).

Record UnixSocketEntry : Type := mkEntry { pid : Z; sock_idx : nat; owners : IoBuffer Owner }.

Definition UnixSocketRegistry : Type := PathMap UnixSocketEntry.

(** The first byte of an abstract name. *)
Definition is_abstract (path : list Z) : bool := match path with 0 :: _ => true | _ => false end.

Section Registry.
Variable size_of_owner size_of_move : Z.
Implicit Types (r : UnixSocketRegistry) (e : UnixSocketEntry).

Definition prepare_registration (owners_mem : Memory) (mem : NameMemory) r (path : list Z) (pid : Z) (sock_idx : nat)
    : option (result (list Z * UnixSocketEntry)) :=
  if contains_key r path then Some (Err EADDRINUSE)
  else
    match copy_from size_of_owner owners_mem [(pid, sock_idx)] with
    | None => None
    | Some (Err e) => Some (Err e)
    | Some (Ok owners) => Some (from_parts mem path [] (mkEntry pid sock_idx owners))
    end.

Definition publish_registration (prepared : list Z * UnixSocketEntry) r : UnixSocketRegistry * bool :=
  if contains_key r (fst prepared) then (r, false) else (put_name (fst prepared) (snd prepared) r, true).

Definition owns (o : Owner) e : bool := bool_decide (o ∈ values (owners e)).
Definition with_owners e (l : IoBuffer Owner) : UnixSocketEntry := mkEntry (pid e) (sock_idx e) l.
(** [owners.retain] *)
Definition without (gone : Owner -> bool) (l : IoBuffer Owner) : IoBuffer Owner :=
  mkIoBuffer (List.filter (fun o => negb (gone o)) (values l)) (capacity l).

(** [for_each_mut] up to the first entry the parent owns. *)
Fixpoint add_inherited_owner (mem : Memory) (parent child : Owner) r : option (UnixSocketRegistry * result bool) :=
  match r with
  | [] => Some ([], Ok false)
  | (path, e) :: rest =>
      if negb (owns parent e) then
        match add_inherited_owner mem parent child rest with
        | Some (rest, res) => Some ((path, e) :: rest, res)
        | None => None
        end
      else if owns child e then Some (r, Ok false)
      else
        match (do! _ <- try_reserve size_of_owner mem 1; push child) (owners e) with
        | None => None
        | Some (l, Ok _) => Some ((path, with_owners e l) :: rest, Ok true)
        | Some (l, Err err) => Some ((path, with_owners e l) :: rest, Err err)
        end
  end.

(** What becomes of an entry whose owners [l] are left: the name of a socket
    in the file system stays without owners; the lookup target moves to the
    first owner left if it was among those [gone]. *)
Definition settle (path : list Z) e (l : IoBuffer Owner) (gone : Owner -> bool) : option UnixSocketEntry :=
  match values l with
  | [] => if is_abstract path then None else Some (with_owners e l)
  | (p, i) :: _ => if gone (pid e, sock_idx e) then Some (mkEntry p i l) else Some (with_owners e l)
  end.

Fixpoint remove_owner_exact (o : Owner) r : UnixSocketRegistry * bool :=
  match r with
  | [] => ([], false)
  | (path, e) :: rest =>
      if negb (owns o e) then
        let (rest, removed) := remove_owner_exact o rest in ((path, e) :: rest, removed)
      else
        let gone o' := bool_decide (o' = o) in
        match settle path e (without gone (owners e)) gone with
        | Some e' => ((path, e') :: rest, true)
        | None => (rest, true)
        end
  end.

Fixpoint cleanup_process (p : Z) r : UnixSocketRegistry :=
  match r with
  | [] => []
  | (path, e) :: rest =>
      let gone (o : Owner) := fst o =? p in
      match settle path e (without gone (owners e)) gone with
      | Some e' => (path, e') :: cleanup_process p rest
      | None => cleanup_process p rest
      end
  end.

Definition lookup r (path : list Z) : option UnixSocketEntry :=
  match find_name r path with
  | Some e => match values (owners e) with [] => None | _ => Some e end
  | None => None
  end.

Definition unregister (path : list Z) r : UnixSocketRegistry * bool := (drop_name path r, contains_key r path).

Definition unregister_under (prefix : list Z) r : UnixSocketRegistry :=
  List.filter (fun entry => negb (contains_path (fst entry) prefix)) r.

Definition contains r (path : list Z) : bool := contains_key r path.

(** A prepared entry is a placeholder without owners; the entry itself is
    moved when the rename is published. *)
Definition prepare_rename (table_mem : Memory) (mem : nat -> NameMemory) (displaced_mem : NameMemory) r
    (oldpath newpath : list Z) : option (result (PreparedRename UnixSocketEntry)) :=
  if bool_decide (oldpath = newpath) then Some (Ok (mkPreparedRename new None))
  else prepare_rename_with size_of_move (fun e => with_owners e new) table_mem mem displaced_mem oldpath newpath r.

Definition publish_rename (prepared : PreparedRename UnixSocketEntry) r : option (UnixSocketRegistry * bool) :=
  let changed := negb (match values (moves prepared) with [] => true | _ => false end)
                 || match displaced prepared with Some _ => true | None => false end in
  match publish_rename_with (fun _ _ => true) (fun _ v => v) prepared r with
  | Some (r, _) => Some (r, changed)
  | None => None
  end.
End Registry.
