(* ===== verification/UnixThms.v ===== *)
(** * The registry of local sockets: theorems

    A name that is found leads to a socket that is open, whatever is bound,
    inherited, closed and renamed. *)

From S2P Require Import Prelude IoBuffer Names NamesThms UnixRegistry.

(** The registry with the sockets that are open, by process and slot. *)
Record NameState : Type := mkNameState { registry : UnixSocketRegistry; open : list Owner }.

Inductive NameCall : Type :=
  | OpenSocket (o : Owner)
  | Bind (owners_mem : Memory) (mem : NameMemory) (path : list Z) (o : Owner)
  | Inherit (mem : Memory) (parent child : Owner)
  | Close (o : Owner)
  | Exit (p : Z)
  | Unlink (path : list Z)
  | UnlinkUnder (prefix : list Z)
  | Rename (table_mem : Memory) (mem : nat -> NameMemory) (displaced_mem : NameMemory) (old new : list Z).

Section Calls.
Variable so sm : Z.

Definition name_call (c : NameCall) (s : NameState) : option NameState :=
  let r := registry s in
  match c with
  | OpenSocket o => Some (mkNameState r (o :: open s))
  | Bind owners_mem mem path o =>
      match prepare_registration so owners_mem mem r path (fst o) (snd o) with
      | None => None
      | Some (Err _) => Some s
      | Some (Ok prepared) => Some (mkNameState (fst (publish_registration prepared r)) (open s))
      end
  | Inherit mem parent child =>
      match add_inherited_owner so mem parent child r with
      | None => None
      | Some (r, Ok _) => Some (mkNameState r (child :: open s))
      | Some (r, Err _) => Some (mkNameState r (open s))
      end
  | Close o => Some (mkNameState (fst (remove_owner_exact o r)) (List.filter (fun o' => negb (bool_decide (o' = o))) (open s)))
  | Exit p => Some (mkNameState (cleanup_process p r) (List.filter (fun o' => negb (fst o' =? p)) (open s)))
  | Unlink path => Some (mkNameState (fst (unregister path r)) (open s))
  | UnlinkUnder prefix => Some (mkNameState (unregister_under prefix r) (open s))
  | Rename table_mem mem displaced_mem old new =>
      match prepare_rename sm table_mem mem displaced_mem r old new with
      | None => None
      | Some (Err _) => Some s
      | Some (Ok p) =>
          match publish_rename p r with
          | None => None
          | Some (r, _) => Some (mkNameState r (open s))
          end
      end
  end.

(** A socket is bound once, a child is a new process, and a path of the file
    system is not an abstract name. *)
Definition name_allowed (c : NameCall) (s : NameState) : Prop :=
  match c with
  | OpenSocket o => o ∉ open s
  | Bind _ _ _ o => o ∈ open s /\ forall q e, In (q, e) (registry s) -> o ∉ values (owners e)
  | Inherit _ _ child => child ∉ open s
  | Rename _ _ _ _ new => is_abstract new = false
  | _ => True
  end.

Inductive name_run : NameState -> list NameCall -> NameState -> Prop :=
  | name_nil s : name_run s [] s
  | name_cons s c s1 calls s2 : name_allowed c s -> name_call c s = Some s1 -> name_run s1 calls s2 -> name_run s (c :: calls) s2.

(** ** The invariant *)

Record entry_ok (alive : list Owner) (path : list Z) (e : UnixSocketEntry) : Prop := {
  entry_nodup : NoDup (values (owners e));
  entry_open : forall o, o ∈ values (owners e) -> o ∈ alive;
  entry_target : values (owners e) <> [] -> (pid e, sock_idx e) ∈ values (owners e);
  entry_abstract : is_abstract path = true -> values (owners e) <> [];
}.

Definition one_name (r : UnixSocketRegistry) : Prop :=
  forall q1 e1 q2 e2 o, In (q1, e1) r -> In (q2, e2) r -> o ∈ values (owners e1) -> o ∈ values (owners e2) -> q1 = q2.

Record names_ok (s : NameState) : Prop := {
  names_sorted : sorted (registry s);
  names_entries : forall q e, In (q, e) (registry s) -> entry_ok (open s) q e;
  names_one : one_name (registry s);
}.

Lemma sorted_by_keys {V} (m : PathMap V) : sorted m <-> StronglySorted (fun a b => bytes_ltb a b = true) (map fst m).
Proof.
  unfold sorted. induction m as [|e m IH]; simpl; [split; constructor|]. split; inversion 1 as [|? ? Hs Hall]; subst; constructor; try tauto;
    rewrite List.Forall_forall in *.
  - intros k (x & <- & Hx)%in_map_iff. by apply (Hall x).
  - intros x Hx. apply Hall. by apply in_map.
Qed.

(** Entries that come from other entries, each from its own. *)
Lemma one_name_from (R : list Z -> list Z -> Prop) r r' : one_name r -> (forall q1 q2 k, R q1 k -> R q2 k -> q1 = q2) ->
  (forall q e', In (q, e') r' -> exists k e, In (k, e) r /\ R q k /\ forall o, o ∈ values (owners e') -> o ∈ values (owners e)) -> one_name r'.
Proof.
  intros H1 Hinj Hfrom q1 e1 q2 e2 o Hq1 Hq2 Ho1 Ho2. destruct (Hfrom q1 e1 Hq1) as (k1 & f1 & Hk1 & HR1 & Hs1).
  destruct (Hfrom q2 e2 Hq2) as (k2 & f2 & Hk2 & HR2 & Hs2). assert (k1 = k2) as -> by (by eapply (H1 k1 f1 k2 f2 o); auto). by eapply Hinj.
Qed.

(** ** Changes entry by entry *)

Definition update_entries (f : list Z -> UnixSocketEntry -> option UnixSocketEntry) (r : UnixSocketRegistry) : UnixSocketRegistry :=
  flat_map (fun x => match f (fst x) (snd x) with Some e' => [(fst x, e')] | None => [] end) r.

Lemma in_update f r q e' : In (q, e') (update_entries f r) <-> exists e, In (q, e) r /\ f q e = Some e'.
Proof.
  unfold update_entries. rewrite in_flat_map. split.
  - intros ([q' e] & Hin & Hx). simpl in Hx. destruct (f q' e) eqn:E; [|done]. destruct Hx as [[= <- <-]|[]]. by exists e.
  - intros (e & Hin & E). exists (q, e). split; [done|]. simpl. rewrite E. by left.
Qed.

Lemma update_sorted f r : sorted r -> sorted (update_entries f r).
Proof.
  induction 1 as [|[q e] r Hs IH Hall]; simpl; [constructor|]. destruct (f q e) as [e'|]; simpl; [|done]. constructor; [done|].
  rewrite List.Forall_forall in *. intros [q1 e1] (e2 & Hin & _)%in_update. by apply (Hall (q1, e2)).
Qed.

Lemma settle_spec path e gone alive : entry_ok alive path e ->
  match settle path e (without gone (owners e)) gone with
  | Some e' => values (owners e') = List.filter (fun o => negb (gone o)) (values (owners e))
      /\ entry_ok (List.filter (fun o => negb (gone o)) alive) path e'
  | None => is_abstract path = true /\ List.filter (fun o => negb (gone o)) (values (owners e)) = []
  end.
Proof.
  intros [H1 H2 H3 H4]. unfold settle, without. cbn [values capacity]. set (l := List.filter _ (values (owners e))).
  assert (forall o, o ∈ l <-> o ∈ values (owners e) /\ gone o = false) as Hl.
  { intros o. unfold l. by rewrite !list_elem_of_In, filter_In, negb_true_iff. }
  assert (NoDup l) as Hnd by (unfold l; apply NoDup_ListNoDup, List.NoDup_filter; by apply NoDup_ListNoDup).
  assert (forall o, o ∈ l -> o ∈ List.filter (fun o => negb (gone o)) alive) as Ho.
  { intros o [Hin Hg]%Hl. apply list_elem_of_In, filter_In. split; [by apply list_elem_of_In, H2|]. by rewrite Hg. }
  destruct l as [|[p i] l'] eqn:El.
  - destruct (is_abstract path) eqn:Ha; [done|]. cbn [with_owners owners values]. split; [done|].
    split; cbn [with_owners owners values pid sock_idx]; [done|done|done|congruence].
  - destruct (gone (pid e, sock_idx e)) eqn:Eg; cbn [with_owners owners values pid sock_idx]; (split; [done|]);
      split; cbn [with_owners owners values pid sock_idx]; try done.
    + intros _. by left.
    + intros _. apply Hl. split; [|done]. apply H3. intros E. unfold l in El. by rewrite E in El.
Qed.

(** The first entry of an owner is the only one. *)
Definition gone_from (o : Owner) (path : list Z) (e : UnixSocketEntry) : option UnixSocketEntry :=
  if owns o e then settle path e (without (fun o' => bool_decide (o' = o)) (owners e)) (fun o' => bool_decide (o' = o)) else Some e.

Lemma owns_iff o e : owns o e = true <-> o ∈ values (owners e).
Proof. unfold owns. apply bool_decide_eq_true. Qed.

Lemma update_none o r : (forall q e, In (q, e) r -> o ∉ values (owners e)) -> update_entries (gone_from o) r = r.
Proof.
  induction r as [|[q e] r IH]; simpl; intros H; [done|]. unfold gone_from at 1. destruct (owns o e) eqn:E.
  - apply owns_iff in E. by destruct (H q e (or_introl eq_refl)).
  - simpl. rewrite IH; [done|]. intros q' e' Hin. apply (H q' e'). by right.
Qed.

Lemma remove_owner_exact_update o r : sorted r -> one_name r -> fst (remove_owner_exact o r) = update_entries (gone_from o) r.
Proof.
  intros Hs H1. pose proof (sorted_keys r Hs) as Hnd. clear Hs. induction r as [|[q e] r IH]; [done|]. cbn [remove_owner_exact].
  simpl in Hnd. inversion Hnd as [|? ? Hn Hnd']; subst.
  assert (one_name r) as H1' by (intros q1 e1 q2 e2 o' Hi1 Hi2; apply (H1 q1 e1 q2 e2 o'); by right).
  unfold update_entries. cbn [flat_map fst snd]. fold (update_entries (gone_from o) r). unfold gone_from at 1. destruct (owns o e) eqn:E; simpl.
  - rewrite update_none; [by destruct (settle _ _ _ _)|]. intros q' e' Hin Ho. apply owns_iff in E.
    assert (q = q') as <- by (apply (H1 q e q' e' o); [by left|by right|done|done]). apply Hn. by apply (in_map fst) in Hin.
  - specialize (IH H1' Hnd'). destruct (remove_owner_exact o r) as [r' b]. simpl in *. by rewrite IH.
Qed.

Lemma cleanup_update p r : cleanup_process p r
  = update_entries (fun path e => settle path e (without (fun o => fst o =? p) (owners e)) (fun o => fst o =? p)) r.
Proof. induction r as [|[q e] r IH]; simpl; [done|]. rewrite IH. by destruct (settle _ _ _ _). Qed.

(** ** A child beside its parent *)

Definition joined (parent child : Owner) (res : result bool) (x y : list Z * UnixSocketEntry) : Prop :=
  fst y = fst x /\ pid (snd y) = pid (snd x) /\ sock_idx (snd y) = sock_idx (snd x)
  /\ (values (owners (snd y)) = values (owners (snd x))
      \/ res = Ok true /\ parent ∈ values (owners (snd x)) /\ child ∉ values (owners (snd x))
         /\ values (owners (snd y)) = values (owners (snd x)) ++ [child]).

Lemma joined_refl parent child res x : joined parent child res x x.
Proof. split_and!; auto. Qed.

Lemma joined_all parent child res r : Forall2 (joined parent child res) r r.
Proof. induction r; constructor; auto using joined_refl. Qed.

Lemma add_inherited_owner_spec mem parent child r :
  exists r' res, add_inherited_owner so mem parent child r = Some (r', res) /\ Forall2 (joined parent child res) r r'.
Proof.
  induction r as [|[q e] r IH]; cbn [add_inherited_owner]; [by eexists _, _; split|]. destruct (owns parent e) eqn:Ep; simpl.
  - destruct (owns child e) eqn:Ec; [eexists _, _; split; [done|]; apply joined_all|]. unfold op_bind.
    destruct (try_reserve_spec so mem 1 (owners e)) as (l & [[]|err] & -> & Hv & _ & Hc & _).
    + specialize (Hc eq_refl). assert (len l < capacity l) as Hroom by (unfold len in *; rewrite Hv; lia).
      destruct (push_spec child l Hroom) as [-> _]. eexists _, _. split; [done|]. constructor; [|apply joined_all].
      split_and!; [done|done|done|]. right. apply owns_iff in Ep. split_and!; [done|done| |by simpl; rewrite Hv].
      intros Ho. simpl in Ho. apply owns_iff in Ho. by rewrite Ho in Ec.
    + eexists _, _. split; [done|]. constructor; [|apply joined_all]. split_and!; [done..|]. by left.
  - destruct IH as (r' & res & -> & Hall). eexists _, _. split; [done|]. constructor; [apply joined_refl|done].
Qed.

Lemma joined_keys parent child res r r' : Forall2 (joined parent child res) r r' -> map fst r' = map fst r.
Proof. induction 1 as [|x y r r' (Hk & _) _ IH]; simpl; [done|]. by rewrite Hk, IH. Qed.

Lemma joined_in parent child res r r' q e' : Forall2 (joined parent child res) r r' -> In (q, e') r' ->
  exists e, In (q, e) r /\ joined parent child res (q, e) (q, e').
Proof.
  intros Hall Hin. apply list_elem_of_In, list_elem_of_lookup in Hin as (i & Hi). destruct (Forall2_lookup_r _ _ _ _ _ Hall Hi) as ([q1 e] & Hi' & Hj).
  pose proof Hj as (E & _). simpl in E. subst q1. exists e. split; [|done]. by eapply list_elem_of_In, list_elem_of_lookup_2.
Qed.

Lemma name_inherit_ok mem parent child s r' res : names_ok s -> child ∉ open s ->
  add_inherited_owner so mem parent child (registry s) = Some (r', res) ->
  names_ok (mkNameState r' (if is_ok res then child :: open s else open s)).
Proof.
  intros [H1 H2 H3] Hnew E. destruct (add_inherited_owner_spec mem parent child (registry s)) as (r1 & res1 & E1 & Hall).
  rewrite E in E1. injection E1 as <- <-. split; cbn [registry open].
  - apply sorted_by_keys. rewrite (joined_keys _ _ _ _ _ Hall). by apply sorted_by_keys.
  - intros q e' Hin. destruct (joined_in _ _ _ _ _ _ _ Hall Hin) as (e & He & _ & Hp & Hi & Hv). simpl in *. destruct (H2 q e He) as [K1 K2 K3 K4].
    destruct Hv as [Hv|(-> & Hpar & Hc & Hv)]; split; rewrite Hv; rewrite ?Hp, ?Hi; auto.
    + intros o Ho. specialize (K2 o Ho). destruct (is_ok res); [by right|done].
    + apply NoDup_app. split_and!; [done| |apply NoDup_singleton]. intros o Ho ->%list_elem_of_singleton. done.
    + intros o [Ho| ->%list_elem_of_singleton]%elem_of_app; simpl; [right; auto|by left].
    + intros _. apply elem_of_app. left. apply K3. intros E'. rewrite E' in Hpar. by apply not_elem_of_nil in Hpar.
    + intros _. by destruct (values (owners e)).
  - intros q1 e1 q2 e2 o Hi1 Hi2 Ho1 Ho2. destruct (joined_in _ _ _ _ _ _ _ Hall Hi1) as (f1 & Hf1 & _ & _ & _ & Hv1).
    destruct (joined_in _ _ _ _ _ _ _ Hall Hi2) as (f2 & Hf2 & _ & _ & _ & Hv2). simpl in *.
    assert (forall q e, In (q, e) (registry s) -> child ∉ values (owners e)) as Hno by (intros q e Hin Hc; apply Hnew; by eapply entry_open; [apply (H2 q e)|]).
    destruct (decide (o = child)) as [->|Hne].
    + destruct Hv1 as [Hv1|(_ & Hp1 & _)]; [rewrite Hv1 in Ho1; by destruct (Hno q1 f1 Hf1)|].
      destruct Hv2 as [Hv2|(_ & Hp2 & _)]; [rewrite Hv2 in Ho2; by destruct (Hno q2 f2 Hf2)|]. by apply (H3 q1 f1 q2 f2 parent).
    + apply (H3 q1 f1 q2 f2 o); [done|done| |].
      * destruct Hv1 as [<-|(_ & _ & _ & Hv1)]; [done|]. rewrite Hv1 in Ho1. apply elem_of_app in Ho1 as [?|?%list_elem_of_singleton]; done.
      * destruct Hv2 as [<-|(_ & _ & _ & Hv2)]; [done|]. rewrite Hv2 in Ho2. apply elem_of_app in Ho2 as [?|?%list_elem_of_singleton]; done.
Qed.

(** ** Renames *)

(** Where the entry at a path comes from. *)
Definition origin (old new q k : list Z) : Prop :=
  (exists s, below_slash s /\ q = new ++ s /\ k = old ++ s) \/ k = q /\ contains_path q old = false.

Lemma origin_inj old new q1 q2 k : origin old new q1 k -> origin old new q2 k -> q1 = q2.
Proof.
  assert (forall s, below_slash s -> contains_path (old ++ s) old = true) as Hc by (intros s Hs; apply contains_path_iff; by exists s).
  intros [(s1 & Hs1 & -> & ->)|[-> H1]] [(s2 & Hs2 & -> & E)|[E H2]].
  - by apply app_inv_head in E as ->.
  - subst. by rewrite Hc in H2.
  - subst. by rewrite Hc in H1.
  - done.
Qed.

Lemma renamed_origin {V} old new (m : PathMap V) q v : renamed old new m q = Some v ->
  exists k, origin old new q k /\ find_name m k = Some v.
Proof.
  unfold renamed. intros H.
  assert ((if contains_path q old then None else if bool_decide (q = new) && (moved_count old m =? 0) then None else find_name m q) = Some v ->
    exists k, origin old new q k /\ find_name m k = Some v) as Hrest.
  { destruct (contains_path q old) eqn:E; [done|]. destruct (_ && _); [done|]. intros Hf. exists q. split; [by right|done]. }
  destruct (rebase_suffix q new) as [s|] eqn:Es; [|auto]. destruct (find_name m (old ++ s)) as [v'|] eqn:Ef; [|auto].
  injection H as ->. apply rebase_suffix_iff in Es as [-> Hs]. exists (old ++ s). split; [left; by exists s|done].
Qed.

Lemma unix_rename_spec table_mem mem displaced_mem (r : UnixSocketRegistry) old new : sorted r ->
  exists res, prepare_rename sm table_mem mem displaced_mem r old new = Some res
    /\ forall p, res = Ok p -> exists r' changed, publish_rename p r = Some (r', changed) /\ sorted r'
         /\ forall q, find_name r' q = if decide (old = new) then find_name r q else renamed old new r q.
Proof.
  intros Hs. unfold prepare_rename. case_bool_decide as He.
  - eexists. split; [done|]. intros p [= <-]. eexists r, _. split_and!; [done..|]. intros q. by rewrite decide_True.
  - destruct (prepare_rename_with_spec sm (fun e => with_owners e IoBuffer.new) table_mem mem displaced_mem old new r) as (res & -> & Hp).
    exists res. split; [done|]. intros p ->. destruct (Hp p eq_refl) as [Hm Hd]. unfold publish_rename.
    destruct (publish_rename_with_spec (fun _ _ => true) (fun _ v => v) (fun e => with_owners e IoBuffer.new) old new r p Hs) as (r' & lost & -> & Hs' & Hf & _);
      [done|done|done|]. eexists r', _. split_and!; [done..|]. intros q. by rewrite decide_False.
Qed.

Lemma is_abstract_app a b : is_abstract a = false -> below_slash b -> is_abstract (a ++ b) = false.
Proof. destruct a as [|x a]; [intros _ [->|(t & ->)]; done|]. simpl. by destruct x. Qed.

Lemma rename_ok old new s r' : names_ok s -> is_abstract new = false -> sorted r' ->
  (forall q, find_name r' q = if decide (old = new) then find_name (registry s) q else renamed old new (registry s) q) ->
  names_ok (mkNameState r' (open s)).
Proof.
  intros [H1 H2 H3] Ha Hs Hf. pose proof (sorted_keys _ Hs) as Hnd'. pose proof (sorted_keys _ H1) as Hnd.
  assert (forall q e, In (q, e) r' -> exists k, In (k, e) (registry s) /\ (if decide (old = new) then q = k else origin old new q k)) as Hfrom.
  { intros q e Hin. apply find_in in Hin; [|done]. rewrite Hf in Hin. destruct (decide (old = new)); [exists q; by rewrite <- find_in|].
    destruct (renamed_origin _ _ _ _ _ Hin) as (k & Ho & Hk). exists k. by rewrite <- find_in. }
  split; cbn [registry open]; [done| |].
  - intros q e Hin. destruct (Hfrom q e Hin) as (k & Hk & Ho). destruct (H2 k e Hk) as [K1 K2 K3 K4]. split; [done..|].
    intros Hq. apply K4. destruct (decide (old = new)); [by subst|]. destruct Ho as [(s1 & Hs1 & -> & ->)|[-> _]]; [|done].
    by rewrite is_abstract_app in Hq.
  - eapply (one_name_from (fun q k => if decide (old = new) then q = k else origin old new q k)); [done| |].
    + intros q1 q2 k. destruct (decide (old = new)); [congruence|apply origin_inj].
    + intros q e Hin. destruct (Hfrom q e Hin) as (k & Hk & Ho). by exists k, e.
Qed.

Lemma update_ok f alive s : names_ok s ->
  (forall q e e', In (q, e) (registry s) -> f q e = Some e' -> entry_ok alive q e' /\ forall o, o ∈ values (owners e') -> o ∈ values (owners e)) ->
  names_ok (mkNameState (update_entries f (registry s)) alive).
Proof.
  intros [H1 H2 H3] Hf. split; cbn [registry open].
  - by apply update_sorted.
  - intros q e' (e & Hin & E)%in_update. by apply (Hf q e e').
  - eapply (one_name_from eq); [done|congruence|]. intros q e' (e & Hin & E)%in_update. exists q, e. split_and!; [done..|]. by apply (Hf q e e').
Qed.

Lemma filter_ok (p : list Z * UnixSocketEntry -> bool) s : names_ok s -> names_ok (mkNameState (List.filter p (registry s)) (open s)).
Proof.
  intros [H1 H2 H3]. split; cbn [registry open].
  - by apply filter_sorted.
  - intros q e [Hin _]%filter_In. auto.
  - intros q1 e1 q2 e2 o [Hi1 _]%filter_In [Hi2 _]%filter_In. by apply (H3 q1 e1 q2 e2 o).
Qed.

Lemma settled_ok gone s q e e' : names_ok s -> In (q, e) (registry s) ->
  settle q e (without gone (owners e)) gone = Some e' ->
  entry_ok (List.filter (fun o => negb (gone o)) (open s)) q e' /\ forall o, o ∈ values (owners e') -> o ∈ values (owners e).
Proof.
  intros Hok Hin E. pose proof (settle_spec q e gone (open s) (names_entries _ Hok q e Hin)) as Hs. rewrite E in Hs. destruct Hs as [Hv He].
  split; [done|]. rewrite Hv. intros o [Ho _]%list_elem_of_In%filter_In. by apply list_elem_of_In.
Qed.

Lemma name_close_ok o s : names_ok s -> names_ok (mkNameState (update_entries (gone_from o) (registry s)) (List.filter (fun o' => negb (bool_decide (o' = o))) (open s))).
Proof.
  intros Hok. apply update_ok; [done|]. intros q e e' Hin. unfold gone_from. destruct (owns o e) eqn:E; [by apply settled_ok|].
  intros [= <-]. split; [|done]. destruct (names_entries _ Hok q e Hin) as [K1 K2 K3 K4]. split; [done| |done..].
  intros o' Ho'. apply list_elem_of_In, filter_In. split; [by apply list_elem_of_In, K2|]. rewrite bool_decide_false; [done|]. intros ->.
  apply owns_iff in Ho'. congruence.
Qed.

(** ** Runs *)

(** A call that closes the socket or changes what its path names. *)
Definition touches (c : NameCall) (o : Owner) (path : list Z) : Prop :=
  match c with
  | Close o' => o' = o
  | Exit p => fst o = p
  | Unlink q => q = path
  | UnlinkUnder prefix => contains_path path prefix = true
  | Rename _ _ _ old new => contains_path path old = true \/ contains_path path new = true
  | _ => False
  end.

Definition bound_at (r : UnixSocketRegistry) (o : Owner) (path : list Z) : Prop :=
  exists e, In (path, e) r /\ o ∈ values (owners e).

Lemma bound_after_update f r o path : bound_at r o path ->
  (forall e, In (path, e) r -> o ∈ values (owners e) -> exists e', f path e = Some e' /\ o ∈ values (owners e')) -> bound_at (update_entries f r) o path.
Proof.
  intros (e & Hin & Ho) Hf. destruct (Hf e Hin Ho) as (e' & E & Ho'). exists e'. split; [|done]. apply in_update. by exists e.
Qed.

Lemma settle_keeps gone s q e o : names_ok s -> In (q, e) (registry s) -> o ∈ values (owners e) -> gone o = false ->
  exists e', settle q e (without gone (owners e)) gone = Some e' /\ o ∈ values (owners e').
Proof.
  intros Hok Hin Ho Hg. pose proof (settle_spec q e gone (open s) (names_entries _ Hok q e Hin)) as Hs.
  assert (o ∈ List.filter (fun o => negb (gone o)) (values (owners e))) as Hk
    by (apply list_elem_of_In, filter_In; split; [by apply list_elem_of_In|by rewrite Hg]).
  destruct (settle _ _ _ _) as [e'|]; [|destruct Hs as [_ E]; rewrite E in Hk; by apply not_elem_of_nil in Hk].
  exists e'. split; [done|]. destruct Hs as [-> _]. done.
Qed.

Lemma bind_spec owners_mem mem r path o res : prepare_registration so owners_mem mem r path (fst o) (snd o) = Some res ->
  match res with
  | Err _ => True
  | Ok prepared => find_name r path = None /\ exists l, values l = [o] /\ prepared = (path, mkEntry (fst o) (snd o) l)
      /\ publish_registration prepared r = (put_name path (mkEntry (fst o) (snd o) l) r, true)
  end.
Proof.
  unfold prepare_registration. destruct (contains_key r path) eqn:Hc; [by intros [= <-]|]. destruct (copy_from_total so owners_mem [(fst o, snd o)]) as (cr & E & Hl).
  rewrite E. destruct cr as [l|e]; [|by intros [= <-]]. destruct (Hl l eq_refl) as [Hv _]. unfold from_parts. destruct (checked_add _ _ _); [|by intros [= <-]].
  destruct (entry_memory _ _); [|by intros [= <-]]. intros [= <-]. rewrite app_nil_r. split; [unfold contains_key in Hc; by destruct (find_name r path)|].
  exists l. destruct o as [p i]. split_and!; [done..|]. unfold publish_registration. simpl. by rewrite Hc.
Qed.

Lemma in_put {V} k v (m : PathMap V) q w : sorted m -> In (q, w) (put_name k v m) <-> if decide (k = q) then w = v else In (q, w) m.
Proof.
  intros Hs. rewrite <- find_in by (apply sorted_keys; by apply put_sorted). rewrite find_put. case_decide; [naive_solver|]. apply find_in. by apply sorted_keys.
Qed.

Lemma open_more_ok o s : names_ok s -> names_ok (mkNameState (registry s) (o :: open s)).
Proof.
  intros [H1 H2 H3]. split; cbn [registry open]; [done| |done]. intros q e Hin. destruct (H2 q e Hin) as [K1 K2 K3 K4]. split; [done| |done..].
  intros o' Ho'. right. auto.
Qed.

Lemma name_bind_ok s path o l : names_ok s -> find_name (registry s) path = None -> o ∈ open s ->
  (forall q e, In (q, e) (registry s) -> o ∉ values (owners e)) -> values l = [o] ->
  names_ok (mkNameState (put_name path (mkEntry (fst o) (snd o) l) (registry s)) (open s)).
Proof.
  intros [H1 H2 H3] Hf Ho Hnew Hl. split; cbn [registry open].
  - by apply put_sorted.
  - intros q e Hin. apply in_put in Hin; [|done]. case_decide; [subst|auto]. split; cbn [owners pid sock_idx]; rewrite Hl.
    + apply NoDup_singleton.
    + by intros o' ->%list_elem_of_singleton.
    + intros _. destruct o. by left.
    + done.
  - intros q1 e1 q2 e2 o' Hi1 Hi2. apply in_put in Hi1; [|done]. apply in_put in Hi2; [|done]. repeat case_decide; subst; try done.
    + cbn [owners]. rewrite Hl. intros Ho1 ->%list_elem_of_singleton. by destruct (Hnew q1 e1 Hi1).
    + cbn [owners]. rewrite Hl. intros ->%list_elem_of_singleton Ho2. by destruct (Hnew q2 e2 Hi2).
    + by apply (H3 q1 e1 q2 e2 o').
Qed.

(** Every call succeeds or fails without a panic, keeps the invariant, and
    keeps the names it does not touch. *)
Lemma name_call_spec c s : names_ok s -> name_allowed c s ->
  exists s', name_call c s = Some s' /\ names_ok s'
    /\ forall o path, bound_at (registry s) o path -> ~ touches c o path -> bound_at (registry s') o path.
Proof.
  intros Hok Ha. pose proof Hok as [H1 H2 H3]. destruct c as [o|owners_mem mem path o|mem parent child|o|p|path|prefix|table_mem mem displaced_mem old new];
    cbn [name_call name_allowed] in *.
  - eexists. split; [done|]. split; [by apply open_more_ok|]. by intros o' q Hb _.
  - destruct Ha as [Ho Hnew]. destruct (prepare_registration _ _ _ _ _ _ _) as [res|] eqn:E.
    2:{ exfalso. unfold prepare_registration in E. destruct (contains_key _ _); [done|]. destruct (copy_from_total so owners_mem [(fst o, snd o)]) as (cr & Ec & _).
        rewrite Ec in E. by destruct cr. }
    pose proof (bind_spec _ _ _ _ _ _ E) as Hs. destruct res as [prepared|err]; [|by exists s].
    destruct Hs as (Hf & l & Hl & -> & ->). eexists. split; [done|]. split; [by apply name_bind_ok|]. intros o' q (e & Hin & Ho') _. exists e. split; [|done].
    cbn [fst registry]. apply in_put; [done|]. rewrite decide_False; [done|]. intros ->. apply find_in in Hin; [|by apply sorted_keys]. congruence.
  - destruct (add_inherited_owner_spec mem parent child (registry s)) as (r' & res & E & Hall). rewrite E.
    pose proof (name_inherit_ok mem parent child s r' res Hok Ha E) as Hok'.
    assert (forall o path, bound_at (registry s) o path -> bound_at r' o path) as Hkeep.
    { intros o q (e & Hin & Ho). apply list_elem_of_In, list_elem_of_lookup in Hin as (i & Hi). destruct (Forall2_lookup_l _ _ _ _ _ Hall Hi) as ([q1 e'] & Hi' & Hq & _ & _ & Hv).
      simpl in *. subst q1. exists e'. split; [by eapply list_elem_of_In, list_elem_of_lookup_2|]. destruct Hv as [->|(_ & _ & _ & ->)]; [done|]. apply elem_of_app. by left. }
    destruct res; eexists; (split; [done|]); (split; [done|]); eauto.
  - eexists. split; [done|]. cbn [registry]. rewrite remove_owner_exact_update by done. split; [by apply name_close_ok|].
    intros o' q Hb Hn. apply bound_after_update; [done|]. intros e Hin Ho. unfold gone_from. destruct (owns o e); [|by exists e].
    apply (settle_keeps _ s); [done..|]. apply bool_decide_false. intros ->. by apply Hn.
  - eexists. split; [done|]. cbn [registry]. rewrite cleanup_update. split; [apply update_ok; [done|]; intros q e e' Hin; by apply settled_ok|].
    intros o' q Hb Hn. apply bound_after_update; [done|]. intros e Hin Ho. apply (settle_keeps _ s); [done..|]. by apply Z.eqb_neq.
  - eexists. split; [done|]. split; [by apply filter_ok|]. intros o' q (e & Hin & Ho) Hn. exists e. split; [|done]. cbn [unregister fst registry].
    apply filter_In. split; [done|]. simpl. rewrite bool_decide_false; [done|]. by intros ->; apply Hn.
  - eexists. split; [done|]. split; [by apply filter_ok|]. intros o' q (e & Hin & Ho) Hn. exists e. split; [|done]. cbn [registry].
    apply filter_In. split; [done|]. simpl in *. by destruct (contains_path q prefix).
  - destruct (unix_rename_spec table_mem mem displaced_mem (registry s) old new H1) as (res & -> & Hp). destruct res as [p|err]; [|by exists s].
    destruct (Hp p eq_refl) as (r' & changed & -> & Hs' & Hf). eexists. split; [done|]. split; [by eapply rename_ok|].
    intros o' q (e & Hin & Ho) Hn. exists e. split; [|done]. cbn [registry]. apply find_in; [by apply sorted_keys|]. apply find_in in Hin; [|by apply sorted_keys].
    rewrite Hf. case_decide; [done|]. unfold renamed. simpl in Hn. unfold contains_path at 2 in Hn.
    destruct (rebase_suffix q new) as [x|] eqn:Ex; [destruct Hn; by right|]. destruct (contains_path q old) eqn:Eo; [destruct Hn; by left|].
    rewrite (bool_decide_false (q = new)); [done|]. intros ->. unfold rebase_suffix in Ex. by rewrite bool_decide_true in Ex.
Qed.

Lemma name_run_ok s calls s' : names_ok s -> name_run s calls s' -> names_ok s'
  /\ forall o path, bound_at (registry s) o path -> (forall c, In c calls -> ~ touches c o path) -> bound_at (registry s') o path.
Proof.
  intros Hok H. induction H as [s|s c s1 calls s2 Ha Hc Hrun IH]; [by split|]. destruct (name_call_spec c s Hok Ha) as (s1' & E & Hok1 & Hk).
  rewrite Hc in E. injection E as <-. destruct (IH Hok1) as [Hok2 Hk2]. split; [done|]. intros o path Hb Hn. apply Hk2; [apply Hk; [done|apply Hn; by left]|].
  intros c' Hc'. apply Hn. by right.
Qed.

Lemma names_start : names_ok (mkNameState [] []).
Proof. split; cbn [registry open]; [constructor|by intros q e []|by intros q1 e1 q2 e2 o []]. Qed.

(** C9. However sockets are bound, inherited, closed and renamed and processes
    exit, a path that a connect finds leads to a socket that is open and bound
    to it, an open socket is bound to at most one name, an abstract name is
    taken exactly as long as an open socket holds it, and no call of the
    registry panics. *)
Theorem names_lead_to_open_sockets calls s : name_run (mkNameState [] []) calls s ->
  (forall path e, lookup (registry s) path = Some e ->
     (pid e, sock_idx e) ∈ open s /\ (pid e, sock_idx e) ∈ values (owners e) /\ forall o, o ∈ values (owners e) -> o ∈ open s)
  /\ (forall path path' o, bound_at (registry s) o path -> bound_at (registry s) o path' -> path = path')
  /\ (forall path, is_abstract path = true -> contains (registry s) path = true <-> exists o, o ∈ open s /\ bound_at (registry s) o path)
  /\ (forall c, name_allowed c s -> is_Some (name_call c s)).
Proof.
  intros Hrun. destruct (name_run_ok _ _ _ names_start Hrun) as [Hok _]. pose proof Hok as [H1 H2 H3]. pose proof (sorted_keys _ H1) as Hnd. split_and!.
  - intros path e. unfold lookup. destruct (find_name (registry s) path) as [e'|] eqn:E; [|done]. intros Hv.
    apply find_in in E; [|done]. destruct (H2 path e' E) as [K1 K2 K3 K4]. destruct (values (owners e')) as [|o l] eqn:El; [done|]. injection Hv as <-.
    rewrite El. specialize (K3 ltac:(done)). split_and!; auto.
  - intros path path' o (e & Hin & Ho) (e' & Hin' & Ho'). by apply (H3 path e path' e' o).
  - intros path Ha. unfold contains. rewrite contains_key_iff. split.
    + intros (e & E). apply find_in in E; [|done]. destruct (H2 path e E) as [K1 K2 K3 K4]. exists (pid e, sock_idx e). split; [apply K2, K3; auto|].
      exists e. split; [done|]. auto.
    + intros (o & _ & e & Hin & _). exists e. by apply find_in.
  - intros c Ha. destruct (name_call_spec c s Hok Ha) as (s' & -> & _). by eexists.
Qed.

(** A socket is found under its path until it is closed, its process exits,
    or its path is removed or renamed: no other call takes the name away, and
    a connect to it reaches one of the sockets that share it. *)
Theorem name_held_until_released calls0 s calls s' o path : name_run (mkNameState [] []) calls0 s -> name_run s calls s' ->
  bound_at (registry s) o path -> (forall c, In c calls -> ~ touches c o path) ->
  exists e, lookup (registry s') path = Some e /\ o ∈ values (owners e)
    /\ forall owners_mem mem p i, prepare_registration so owners_mem mem (registry s') path p i = Some (Err EADDRINUSE).
Proof.
  intros H0 H Hb Hn. destruct (name_run_ok _ _ _ names_start H0) as [Hok _]. destruct (name_run_ok _ _ _ Hok H) as [Hok' Hk].
  destruct (Hk o path Hb Hn) as (e & Hin & Ho). apply find_in in Hin; [|apply sorted_keys; by apply names_sorted]. exists e. split_and!; [|done|].
  - unfold lookup. rewrite Hin. destruct (values (owners e)); [by apply not_elem_of_nil in Ho|done].
  - intros owners_mem mem p i. unfold prepare_registration, contains_key. by rewrite Hin.
Qed.

(** A rename of the file system moves every name at or below the old path to
    the same place below the new one, the sockets bound to it unchanged, drops
    the name it replaces, and keeps every other name. *)
Theorem rename_moves_socket_names calls s table_mem mem displaced_mem old new : name_run (mkNameState [] []) calls s -> old <> new ->
  exists res, prepare_rename sm table_mem mem displaced_mem (registry s) old new = Some res
    /\ forall p, res = Ok p -> exists r' changed, publish_rename p (registry s) = Some (r', changed)
         /\ forall q, find_name r' q = renamed old new (registry s) q.
Proof.
  intros Hrun Hne. destruct (name_run_ok _ _ _ names_start Hrun) as [[H1 _ _] _].
  destruct (unix_rename_spec table_mem mem displaced_mem (registry s) old new H1) as (res & E & Hp). exists res. split; [done|].
  intros p Hok. destruct (Hp p Hok) as (r' & changed & Hpub & _ & Hf). exists r', changed. split; [done|]. intros q. by rewrite Hf, decide_False.
Qed.
End Calls.

(** ** Witnesses *)

Definition after (o : option NameState) (default : NameState) : NameState := match o with Some s => s | None => default end.
Definition wu0 : NameState := mkNameState [] [].
Definition wu1 : NameState := mkNameState [] [(1, 0%nat)].
Definition wu2 : NameState := after (name_call 16 80 (Bind witness_mem granted path_a (1, 0%nat)) wu1) wu1.
Definition wu3 : NameState := after (name_call 16 80 (Inherit witness_mem (1, 0%nat) (2, 0%nat)) wu2) wu2.
Definition wu4 : NameState := after (name_call 16 80 (Close (1, 0%nat)) wu3) wu3.

Lemma wu2_reachable : name_run 16 80 wu0 [OpenSocket (1, 0%nat); Bind witness_mem granted path_a (1, 0%nat)] wu2.
Proof.
  refine (name_cons 16 80 wu0 _ wu1 _ _ _ _ _); [apply not_elem_of_nil|reflexivity|].
  refine (name_cons 16 80 wu1 _ wu2 _ _ _ _ (name_nil 16 80 wu2)); [split; [by left|by intros q e []]|vm_compute; reflexivity].
Qed.

Lemma wu4_reachable : name_run 16 80 wu2 [Inherit witness_mem (1, 0%nat) (2, 0%nat); Close (1, 0%nat)] wu4.
Proof.
  refine (name_cons 16 80 wu2 _ wu3 _ _ _ _ _); [apply (bool_decide_unpack _); vm_compute; reflexivity|vm_compute; reflexivity|].
  refine (name_cons 16 80 wu3 _ wu4 _ _ _ _ (name_nil 16 80 wu4)); [exact I|vm_compute; reflexivity].
Qed.

Lemma wu_both calls1 calls2 s1 s2 : name_run 16 80 wu0 calls1 s1 -> name_run 16 80 s1 calls2 s2 -> name_run 16 80 wu0 (calls1 ++ calls2) s2.
Proof. intros H1 H2. induction H1; simpl; [done|]. econstructor; eauto. Qed.

Lemma names_lead_to_open_sockets_witness : exists e, lookup (registry wu4) path_a = Some e /\ (pid e, sock_idx e) ∈ open wu4.
Proof.
  destruct (names_lead_to_open_sockets 16 80 _ wu4 (wu_both _ _ _ _ wu2_reachable wu4_reachable)) as [H _].
  exists (mkEntry 2 0 (mkIoBuffer [(2, 0%nat)] 4)). split; [vm_compute; reflexivity|].
  destruct (H path_a (mkEntry 2 0 (mkIoBuffer [(2, 0%nat)] 4))) as [Ho _]; [vm_compute; reflexivity|exact Ho].
Defined.

Lemma name_held_until_released_witness : exists e, lookup (registry wu3) path_a = Some e /\ (1, 0%nat) ∈ values (owners e).
Proof.
  destruct (name_held_until_released 16 80 _ wu2 [Inherit witness_mem (1, 0%nat) (2, 0%nat)] wu3 (1, 0%nat) path_a wu2_reachable) as (e & H1 & H2 & _).
  - refine (name_cons 16 80 wu2 _ wu3 _ _ _ _ (name_nil 16 80 wu3)); [apply (bool_decide_unpack _); vm_compute; reflexivity|vm_compute; reflexivity].
  - exists (mkEntry 1 0 (mkIoBuffer [(1, 0%nat)] 1)). split; [vm_compute; by left|by left].
  - intros c [<-|[]] [].
  - exists e. split; [exact H1|exact H2].
Defined.

Lemma rename_moves_socket_names_witness : exists res, prepare_rename 80 witness_mem (fun _ => granted) granted (registry wu2) path_a path_b = Some res
  /\ forall p, res = Ok p -> exists r' changed, publish_rename p (registry wu2) = Some (r', changed) /\ is_Some (find_name r' path_b).
Proof.
  destruct (rename_moves_socket_names 16 80 _ wu2 witness_mem (fun _ => granted) granted path_a path_b wu2_reachable) as (res & H1 & H2); [discriminate|].
  exists res. split; [exact H1|]. intros p Hp. destruct (H2 p Hp) as (r' & changed & H3 & H4). exists r', changed. split; [exact H3|].
  rewrite H4. eexists. vm_compute. reflexivity.
Defined.
