(* ===== verification/InetBind.v ===== *)
(** * Binding and closing sockets (crates/runtime-core/src/syscalls.rs)

    [bind] for Internet sockets: the address is parsed, the port chosen, and
    the port table asked before the socket changes; and the socket part of the
    last close, which gives back everything a socket holds in the tables
    shared by all processes. The arm of [bind] for local sockets works on the
    file system and is the argument [bind_unix]; the host is the argument
    [host_udp_bind] and a list of the calls made to it. *)

From S2P Require Import Prelude Fd OfdRefs Ofd Descriptors Pipe PipeTable Names UnixRegistry IoBuffer Bindings Socket Backlog.

Definition AF_INET : Z := 2.
Definition AF_INET6 : Z := 10.
Definition SOL_SOCKET : Z := 1.
Definition SO_REUSEADDR : Z := 2.
Definition IPPROTO_IPV6 : Z := 41.
Definition IPV6_V6ONLY : Z := 26.

(** ** Addresses *)

Definition byte_at (l : list Z) (i : nat) : Z := default 0 (l !! i).

Definition sockaddr_family (addr : list Z) : result Z :=
  if lenZ addr <? 2 then Err EINVAL else Ok (byte_at addr 0 + 256 * byte_at addr 1).

Definition parse_sockaddr_in (addr : list Z) : result (list Z * Z) :=
  if lenZ addr <? 8 then Err EINVAL
  else
    match sockaddr_family addr with
    | Err e => Err e
    | Ok family =>
        if negb (family =? AF_INET) then Err EAFNOSUPPORT
        else Ok (take 4 (drop 4 addr), 256 * byte_at addr 2 + byte_at addr 3)
    end.

Definition parse_sockaddr_in6 (addr : list Z) : result (list Z * Z) :=
  if lenZ addr <? 28 then Err EINVAL
  else
    match sockaddr_family addr with
    | Err e => Err e
    | Ok family =>
        if negb (family =? AF_INET6) then Err EAFNOSUPPORT
        else Ok (take 16 (drop 8 addr), 256 * byte_at addr 2 + byte_at addr 3)
    end.

(** A prefix of the structure into the buffer of the caller; the length
    returned is that of the whole structure. *)
Definition copy_prefix (sa buf : list Z) : list Z :=
  let n := Nat.min (length buf) (length sa) in take n sa ++ drop n buf.

Definition write_sockaddr_in (buf addr : list Z) (port : Z) : list Z * Z :=
  (copy_prefix ([2; 0; port / 256; port mod 256] ++ addr ++ replicate 8 0) buf, 16).

Definition write_sockaddr_in6 (buf addr : list Z) (port : Z) : list Z * Z :=
  (copy_prefix ([10; 0; port / 256; port mod 256; 0; 0; 0; 0] ++ addr ++ replicate 4 0) buf, 28).

Definition is_loopback_addr (addr : list Z) : bool := byte_at addr 0 =? 127.
Definition loopback6 : list Z := replicate 15 0 ++ [1].
Definition is_loopback_addr6 (addr : list Z) : bool := bool_decide (addr = loopback6).
Definition is_unspecified_addr6 (addr : list Z) : bool := bool_decide (addr = any6).
Definition is_ipv4_multicast_addr (addr : list Z) : bool := (224 <=? byte_at addr 0) && (byte_at addr 0 <=? 239).

(** [b"lo"] and [b"eth0"]. *)
Definition lo : list Z := [108; 111].
Definition eth0 : list Z := [101; 116; 104; 48].

Section Sockets.
Context {F : Type}.
Implicit Types (s : SocketInfo F).

Definition ipv6_v6only s : bool :=
  negb (default (if bool_decide (sock_type s = Dgram) then 1 else 0) (get_option s IPPROTO_IPV6 IPV6_V6ONLY) =? 0).

Definition bind_device_allows_ipv4 s (addr : list Z) (binding : bool) : bool :=
  match bind_device (opts s) with
  | None => true
  | Some device =>
      if bool_decide (values device = lo)
      then bool_decide (addr = any4) || is_loopback_addr addr || (negb binding && is_ipv4_multicast_addr addr)
      else if bool_decide (values device = eth0) then bool_decide (addr = any4) || negb (is_loopback_addr addr)
      else false
  end.

Definition bind_device_allows_ipv6 s (addr : list Z) : bool :=
  match bind_device (opts s) with
  | None => true
  | Some device =>
      if bool_decide (values device = lo) then is_unspecified_addr6 addr || is_loopback_addr6 addr else false
  end.

(** [udp_reuse_addr] *)
Definition socket_reuse_addr s : bool := negb (default 0 (get_option s SOL_SOCKET SO_REUSEADDR) =? 0).

(** The stores of a successful bind. *)
Definition with_names s (n : SocketNames) (st : SocketState) : SocketInfo F :=
  mkSocket (poll_identity s) (domain s) (sock_type s) (protocol s) st (link s) (opts s) n (listener s) (once s).
Definition set_bind_addr (n : SocketNames) (addr : list Z) (port : Z) : SocketNames :=
  mkNames addr (bind_addr6 n) port (peer_addr n) (udp_source_addr n) (peer_addr6 n) (peer_port n) (peer_cred n) (bind_path n).
Definition set_bind_addr6 (n : SocketNames) (addr : list Z) (port : Z) : SocketNames :=
  mkNames (bind_addr n) addr port (peer_addr n) (udp_source_addr n) (peer_addr6 n) (peer_port n) (peer_cred n) (bind_path n).
Definition leave_unbound (st : SocketState) : SocketState := if bool_decide (st = Unbound) then Bound else st.
End Sockets.

(** ** Ephemeral ports *)

Definition first_ephemeral : Z := 49152.

Definition bump_ephemeral_port (next : Z) : Z :=
  if (next <? first_ephemeral) || (next =? u16_max) then first_ephemeral else next + 1.

(** The loop of the three searches. [fuel] bounds the ports tried; [None] is
    a search that has not ended. *)
Fixpoint ephemeral_loop (fuel : nat) (can_bind : Z -> bool) (start next : Z) : option (Z * result Z) :=
  match fuel with
  | O => None
  | S fuel =>
      let port := next in
      let next := bump_ephemeral_port next in
      if can_bind port then Some (next, Ok port)
      else if next =? start then Some (next, Err EADDRINUSE)
      else ephemeral_loop fuel can_bind start next
  end.

Definition ephemeral_ports : nat := 16384.

Definition search_ephemeral_port (can_bind : Z -> bool) (next : Z) : option (Z * result Z) :=
  let start := if next <? first_ephemeral then first_ephemeral else next in
  ephemeral_loop ephemeral_ports can_bind start start.

(** The port of an IPv4 stream socket is taken without a search. *)
Definition take_ephemeral_port (next : Z) : Z * Z :=
  let next' := wrapping_add 16 next 1 in
  (if next' =? 0 then first_ephemeral else next', next).

(** ** State *)

(** What a call made to the host or to sleeping callers. *)
Inductive HostCall : Type := HostUdpUnbind (handle : Z) | HostNetClose (handle : Z) | DatagramWritable.

(** The part of a process that sockets live in. *)
Record NetProc (F : Type) : Type := mkNetProc {
  proc_pid : Z; descriptors : Proc; next_ephemeral_port : Z; proc_sockets : SocketTable F }.
Arguments mkNetProc {F}. Arguments proc_pid {F}. Arguments descriptors {F}. Arguments next_ephemeral_port {F}. Arguments proc_sockets {F}.

(** The tables shared by all processes. *)
Record NetWorld (F D : Type) : Type := mkNetWorld {
  port_tables : BindingTables; host_net : HostNet; listener_backlogs : SharedBacklogTable; pipe_table : Table F D;
  unix_names : UnixRegistry.UnixSocketRegistry; host_calls : list HostCall }.
Arguments mkNetWorld {F D}. Arguments port_tables {F D}. Arguments host_net {F D}. Arguments listener_backlogs {F D}.
Arguments pipe_table {F D}. Arguments unix_names {F D}. Arguments host_calls {F D}.

Section Bind.
Context {F D : Type}.
Abbreviation State := (NetProc F * NetWorld F D)%type.

Definition with_next_port (next : Z) (p : NetProc F) : NetProc F := mkNetProc (proc_pid p) (descriptors p) next (proc_sockets p).
Definition with_sockets (t : SocketTable F) (p : NetProc F) : NetProc F := mkNetProc (proc_pid p) (descriptors p) (next_ephemeral_port p) t.
Definition with_tables (B : BindingTables) (w : NetWorld F D) : NetWorld F D :=
  mkNetWorld B (host_net w) (listener_backlogs w) (pipe_table w) (unix_names w) (host_calls w).

(** A method of the port tables. *)
Definition on_tables {A} (m : op BindingTables A) : op State A := fun st =>
  match m (port_tables (snd st)) with
  | Some (B, r) => Some ((fst st, with_tables B (snd st)), r)
  | None => None
  end.

(** [proc.sockets.get(sock_idx).ok_or(EBADF)?] *)
Definition socket_at (idx : nat) : op State (SocketInfo F) := fun st =>
  Some (st, ok_or (Socket.get (proc_sockets (fst st)) idx) EBADF).

(** [proc.sockets.get_mut(sock_idx).ok_or(EBADF)?] and the stores. *)
Definition store_socket (idx : nat) (f : SocketInfo F -> SocketInfo F) : op State unit := fun st =>
  match Socket.get (proc_sockets (fst st)) idx with
  | None => Some (st, Err EBADF)
  | Some _ => Some ((with_sockets (Socket.update idx f (proc_sockets (fst st))) (fst st), snd st), Ok tt)
  end.

(** A search with the tables as they are; running out of fuel is no outcome. *)
Definition assign_ephemeral (can_bind : BindingTables -> Z -> bool) : op State Z := fun st =>
  match search_ephemeral_port (can_bind (port_tables (snd st))) (next_ephemeral_port (fst st)) with
  | Some (next, r) => Some ((with_next_port next (fst st), snd st), r)
  | None => None
  end.

Variable size_of_owner size_of_udp size_of_udp6 size_of_tcp size_of_tcp6 : Z.
Variable host_udp_bind : Z -> list Z -> Z -> result unit.

Definition pid_of : op State Z := op_get (fun st => proc_pid (fst st)).

Definition allocate_udp_ephemeral_port (sock_idx : nat) (addr : list Z) (reuse_addr : bool) : op State Z :=
  do! pid <- pid_of;
  assign_ephemeral (fun B port => udp_can_bind pid (Z.of_nat sock_idx) addr port reuse_addr (udp_bindings B)).

Definition udp_bind_socket (mem : BindMemory) (sock_idx : nat) (addr : list Z) (port : Z) : op State unit :=
  do! sock <- socket_at sock_idx;
  if negb (bind_device_allows_ipv4 sock addr true) then op_err EADDRNOTAVAIL
  else
    let reuse_addr := socket_reuse_addr sock in
    do! pid <- pid_of;
    do! assigned_port <- (if port =? 0 then allocate_udp_ephemeral_port sock_idx addr reuse_addr else op_ret port);
    do! _ <- on_tables (on_udp (udp_register size_of_owner size_of_udp mem pid (Z.of_nat sock_idx) addr assigned_port reuse_addr));
    do! _ <- (if is_loopback_addr addr then op_ret tt
              else
                match host_udp_bind (as_i32 (Z.of_nat sock_idx)) addr assigned_port with
                | Ok _ => op_ret tt
                | Err e => do! _ <- on_tables (on_udp (op_modify (udp_unregister pid (Z.of_nat sock_idx)))); op_err e
                end);
    store_socket sock_idx (fun s => with_names s (set_bind_addr (names s) addr assigned_port) (leave_unbound (state s))).

Definition udp_ensure_bound (mem : BindMemory) (sock_idx : nat) (addr : list Z) : op State unit :=
  do! sock <- socket_at sock_idx;
  if negb (bind_port (names sock) =? 0) then op_ret tt else udp_bind_socket mem sock_idx addr 0.

Definition udp6_bind_socket (mem : BindMemory) (sock_idx : nat) (addr : list Z) (port : Z) : op State unit :=
  if negb (is_loopback_addr6 addr || is_unspecified_addr6 addr) then op_err EADDRNOTAVAIL
  else
    do! sock <- socket_at sock_idx;
    if negb (bind_device_allows_ipv6 sock addr) then op_err EADDRNOTAVAIL
    else
      let reuse_addr := socket_reuse_addr sock in
      do! pid <- pid_of;
      do! assigned_port <-
        (if port =? 0
         then assign_ephemeral (fun B candidate => udp6_can_bind pid (Z.of_nat sock_idx) addr candidate reuse_addr (udp6_bindings B))
         else op_ret port);
      do! _ <- on_tables (on_udp6 (udp6_register size_of_owner size_of_udp6 mem pid (Z.of_nat sock_idx) addr assigned_port reuse_addr));
      store_socket sock_idx (fun s => with_names s (set_bind_addr6 (names s) addr assigned_port) (leave_unbound (state s))).

Definition udp6_ensure_bound (mem : BindMemory) (sock_idx : nat) (addr : list Z) : op State unit :=
  do! sock <- socket_at sock_idx;
  if negb (bind_port (names sock) =? 0) then op_ret tt else udp6_bind_socket mem sock_idx addr 0.

(** The stream arms of [sys_bind]. *)
Definition tcp_bind_socket (mem : BindMemory) (sock : SocketInfo F) (sock_idx : nat) (ip : list Z) (port : Z) : op State unit :=
  if negb (bind_device_allows_ipv4 sock ip true) then op_err EADDRNOTAVAIL
  else
    do! pid <- pid_of;
    do! assigned_port <-
      (if port =? 0
       then fun st => let (next, p) := take_ephemeral_port (next_ephemeral_port (fst st)) in Some ((with_next_port next (fst st), snd st), Ok p)
       else op_ret port);
    do! _ <- on_tables (on_tcp (tcp_register size_of_owner size_of_tcp mem pid (Z.of_nat sock_idx) ip assigned_port));
    store_socket sock_idx (fun s => with_names s (set_bind_addr (names s) ip assigned_port) Bound).

Definition tcp6_bind_socket (mem mem4 : BindMemory) (sock : SocketInfo F) (sock_idx : nat) (ip : list Z) (port : Z) : op State unit :=
  if negb (is_loopback_addr6 ip || is_unspecified_addr6 ip) then op_err EADDRNOTAVAIL
  else if negb (bind_device_allows_ipv6 sock ip) then op_err EADDRNOTAVAIL
  else
    let dual_stack := is_unspecified_addr6 ip && negb (ipv6_v6only sock) in
    do! pid <- pid_of;
    do! assigned_port <-
      (if port =? 0
       then assign_ephemeral (fun B candidate =>
              tcp6_can_bind pid (Z.of_nat sock_idx) ip candidate (tcp6_bindings B)
              && (negb dual_stack || tcp_can_bind pid (Z.of_nat sock_idx) any4 candidate (tcp_bindings B)))
       else op_ret port);
    do! _ <- on_tables (on_tcp6 (tcp6_register size_of_owner size_of_tcp6 mem pid (Z.of_nat sock_idx) ip assigned_port));
    do! _ <- (if dual_stack
              then op_match (on_tables (on_tcp (tcp_register size_of_owner size_of_tcp mem4 pid (Z.of_nat sock_idx) any4 assigned_port))) op_ret
                     (fun err => do! _ <- on_tables (on_tcp6 (op_modify (tcp6_unregister pid (Z.of_nat sock_idx)))); op_err err)
              else op_ret tt);
    store_socket sock_idx (fun s => with_names s (set_bind_addr6 (names s) ip assigned_port) Bound).

(** The socket of a descriptor; [-(host_handle + 1)] as an index. *)
Definition socket_of_descriptor (fd : Z) : op State nat := fun st =>
  let p := descriptors (fst st) in
  match Fd.get (fd_table p) fd with
  | Err e => Some (st, Err e)
  | Ok entry =>
      match Ofd.get (ofd_table p) (Z.to_nat (ofd_ref entry)) with
      | None => Some (st, Err EBADF)
      | Some o =>
          if negb (bool_decide (file_type o = Ofd.Socket)) then Some (st, Err ENOTSOCK)
          else if host_handle o =? i64_max then None
          else Some (st, Ok (Z.to_nat ((- (host_handle o + 1)) mod 2 ^ 32)))
      end
  end.

(** The outcomes of the allocations of a registration in the IPv6 and in the
    IPv4 table. *)
Record BindMemories : Type := mkBindMemories { first_memory : BindMemory; second_memory : BindMemory }.

Variable bind_unix : nat -> list Z -> op State unit.

Definition bind_socket (mem : BindMemories) (sock_idx : nat) (addr : list Z) : op State unit :=
  do! sock <- socket_at sock_idx;
  if negb (bool_decide (state sock = Unbound)) then op_err EINVAL
  else
    match domain sock with
    | Inet =>
        do! parsed <- op_lift (parse_sockaddr_in addr);
        let (ip, port) := parsed : list Z * Z in
        if bool_decide (sock_type sock = Dgram) then udp_bind_socket (first_memory mem) sock_idx ip port
        else tcp_bind_socket (first_memory mem) sock sock_idx ip port
    | Inet6 =>
        do! parsed <- op_lift (parse_sockaddr_in6 addr);
        let (ip, port) := parsed : list Z * Z in
        if bool_decide (sock_type sock = Dgram) then udp6_bind_socket (first_memory mem) sock_idx ip port
        else tcp6_bind_socket (first_memory mem) (second_memory mem) sock sock_idx ip port
    | Unix => bind_unix sock_idx addr
    end.

Definition sys_bind (mem : BindMemories) (fd : Z) (addr : list Z) : op State unit :=
  do! sock_idx <- socket_of_descriptor fd;
  bind_socket mem sock_idx addr.

(** ** The last close of a socket *)

Definition note (c : HostCall) (w : NetWorld F D) : NetWorld F D :=
  mkNetWorld (port_tables w) (host_net w) (listener_backlogs w) (pipe_table w) (unix_names w) (host_calls w ++ [c]).

Definition release_name (pid : Z) (idx : nat) (s : SocketInfo F) (w : NetWorld F D) : NetWorld F D :=
  match bind_path (names s) with
  | None => w
  | Some _ => mkNetWorld (port_tables w) (host_net w) (listener_backlogs w) (pipe_table w)
                (fst (UnixRegistry.remove_owner_exact (pid, idx) (unix_names w))) (host_calls w)
  end.

Definition release_ports (pid : Z) (idx : nat) (s : SocketInfo F) (w : NetWorld F D) : NetWorld F D :=
  let B := port_tables w in
  let i := Z.of_nat idx in
  match domain s, sock_type s with
  | Inet, Dgram =>
      note (HostUdpUnbind (as_i32 i))
        (with_tables (mkTables (udp_unregister pid i (udp_bindings B)) (udp6_bindings B) (tcp_bindings B) (tcp6_bindings B)) w)
  | Inet6, Dgram => with_tables (mkTables (udp_bindings B) (udp6_unregister pid i (udp6_bindings B)) (tcp_bindings B) (tcp6_bindings B)) w
  | Inet, SockStream => with_tables (mkTables (udp_bindings B) (udp6_bindings B) (tcp_unregister pid i (tcp_bindings B)) (tcp6_bindings B)) w
  | Inet6, SockStream =>
      with_tables (mkTables (udp_bindings B) (udp6_bindings B) (tcp_unregister pid i (tcp_bindings B)) (tcp6_unregister pid i (tcp6_bindings B))) w
  | Unix, _ => w
  end.

Definition release_connection (s : SocketInfo F) (w : NetWorld F D) : option (NetWorld F D) :=
  match host_net_handle (link s) with
  | None => Some w
  | Some h =>
      match host_net_handle_close_ref h (host_net w) with
      | None => None
      | Some (n, last) =>
          let w := mkNetWorld (port_tables w) n (listener_backlogs w) (pipe_table w) (unix_names w) (host_calls w) in
          Some (if last then note (HostNetClose h) w else w)
      end
  end.

Definition release_backlog (s : SocketInfo F) (w : NetWorld F D) : NetWorld F D :=
  match shared_backlog_idx (listener s) with
  | None => w
  | Some i =>
      let (b, p) := Backlog.dec_ref i (listener_backlogs w) (pipe_table w) in
      mkNetWorld (port_tables w) (host_net w) b p (unix_names w) (host_calls w)
  end.

(** Close an end of a pipe and free the slot if that was the last. *)
Definition release_end (end_of : option nat) (g : Pipe F D -> Pipe F D) (w : NetWorld F D) : NetWorld F D :=
  match end_of with
  | None => w
  | Some i =>
      match PipeTable.get (pipe_table w) i with
      | None => w
      | Some _ => mkNetWorld (port_tables w) (host_net w) (listener_backlogs w)
                    (free_if_closed i (with_slot i g (pipe_table w))) (unix_names w) (host_calls w)
      end
  end.

Definition orderly_tcp_close (s : SocketInfo F) : bool :=
  match domain s, sock_type s with
  | Inet, SockStream | Inet6, SockStream => true
  | _, _ => false
  end.

Definition release_socket (pid : Z) (idx : nat) (s : SocketInfo F) (w : NetWorld F D) : option (NetWorld F D) :=
  match release_connection s (release_ports pid idx s (release_name pid idx s w)) with
  | None => None
  | Some w =>
      Some (release_end (recv_buf_idx (link s)) (if orderly_tcp_close s then close_read_end_orderly else close_read_end)
              (release_end (send_buf_idx (link s)) close_write_end (release_backlog s w)))
  end.

(** No socket of the process refers to the slot any more. *)
Definition forget_peer (idx : nat) (slot : option (SocketInfo F)) : option (SocketInfo F) :=
  match slot with
  | Some s => Some (if bool_decide (peer_idx (link s) = Some idx) then without_peer s else s)
  | None => None
  end.

(** The socket arm of [release_ofd_reference_impl], once the description is
    freed. *)
Definition close_socket (idx : nat) (st : State) : option State :=
  let (p, w) := st in
  let sock := Socket.get (proc_sockets p) idx in
  match (match sock with None => Some w | Some s => release_socket (proc_pid p) idx s w end) with
  | None => None
  | Some w =>
      let t := proc_sockets p in
      let t := Socket.free idx (put_slots t (map (forget_peer idx) (socket_slots t))) in
      let unix_dgram := match sock with Some s => bool_decide (domain s = Unix) && bool_decide (sock_type s = Dgram) | None => false end in
      Some (with_sockets t p, if unix_dgram then note DatagramWritable w else w)
  end.
End Bind.
