(* ===== verification/InetThms.v ===== *)
(** * Binding and closing sockets: theorems

    The search for a free port ends and is complete; a bind takes the port for
    exactly its socket or changes nothing; and however processes create, bind,
    inherit and close sockets and exit, the port tables list exactly the
    sockets that report a bound address. *)

From S2P Require Import Prelude Fd OfdRefs Ofd Descriptors Pipe PipeTable IoBuffer Bindings BindInv BindThms Socket SocketThms Backlog InetBind.

(** ** Ephemeral ports *)

Section Ephemeral.
Variable start : Z.
Hypothesis start_range : first_ephemeral <= start <= u16_max.

(** The ports in the order of the search. *)
Definition port_at (k : Z) : Z := first_ephemeral + (start - first_ephemeral + k) mod 16384.

Lemma port_at_range k : first_ephemeral <= port_at k <= u16_max.
Proof. unfold port_at, first_ephemeral, u16_max. pose proof (Z.mod_pos_bound (start - 49152 + k) 16384). lia. Qed.

Lemma port_at_0 : port_at 0 = start.
Proof. unfold port_at, first_ephemeral, u16_max in *. rewrite Z.mod_small; lia. Qed.

Lemma port_at_covers p : first_ephemeral <= p <= u16_max -> exists k, 0 <= k < 16384 /\ p = port_at k.
Proof.
  intros Hp. exists ((p - start) mod 16384). split; [apply Z.mod_pos_bound; lia|]. unfold port_at, first_ephemeral, u16_max in *.
  rewrite Zplus_mod_idemp_r. replace (start - 49152 + (p - start)) with (p - 49152) by lia. rewrite Z.mod_small; lia.
Qed.

Lemma bump_port_at k : bump_ephemeral_port (port_at k) = port_at (k + 1).
Proof.
  pose proof (port_at_range k) as Hr. unfold bump_ephemeral_port. rewrite (proj2 (Z.ltb_ge _ _)) by lia. simpl.
  unfold port_at, first_ephemeral, u16_max in *. rewrite Z.add_assoc, <- (Zplus_mod_idemp_l (start - 49152 + k)).
  pose proof (Z.mod_pos_bound (start - 49152 + k) 16384) as Hm. destruct (Z.eqb_spec (49152 + (start - 49152 + k) mod 16384) 65535) as [E|E].
  - replace ((start - 49152 + k) mod 16384) with 16383 by lia. reflexivity.
  - rewrite (Z.mod_small ((start - 49152 + k) mod 16384 + 1)); lia.
Qed.

Lemma port_at_start k : 0 < k <= 16384 -> port_at k = start <-> k = 16384.
Proof.
  intros Hk. unfold port_at, first_ephemeral, u16_max in *. split.
  - intros E. destruct (Z_lt_le_dec (start - 49152 + k) 16384); [rewrite Z.mod_small in E; lia|].
    destruct (Z.eq_dec k 16384); [done|]. replace (start - 49152 + k) with ((start - 49152 + k - 16384) + 1 * 16384) in E by lia.
    rewrite Z_mod_plus_full, Z.mod_small in E; lia.
  - intros ->. replace (start - 49152 + 16384) with ((start - 49152) + 1 * 16384) by lia. rewrite Z_mod_plus_full, Z.mod_small; lia.
Qed.

Lemma ephemeral_loop_spec can n k : k = 16384 - Z.of_nat n -> 0 <= k < 16384 -> (forall j, 0 <= j < k -> can (port_at j) = false) ->
  exists next r, ephemeral_loop n can start (port_at k) = Some (next, r) /\ first_ephemeral <= next <= u16_max /\
  match r with
  | Ok p => exists j, 0 <= j < 16384 /\ p = port_at j /\ can p = true /\ forall i, 0 <= i < j -> can (port_at i) = false
  | Err e => e = EADDRINUSE /\ forall p, first_ephemeral <= p <= u16_max -> can p = false
  end.
Proof.
  revert k. induction n as [|n IH]; intros k Hn Hk Hno; [lia|]. cbn [ephemeral_loop]. destruct (can (port_at k)) eqn:Hc.
  - eexists _, _. split; [done|]. split; [rewrite bump_port_at; apply port_at_range|]. exists k. by split_and!; try lia.
  - assert (forall j, 0 <= j < k + 1 -> can (port_at j) = false) as Hno'.
    { intros j Hj. destruct (Z.eq_dec j k) as [->|]; [done|]. apply Hno. lia. }
    rewrite bump_port_at. destruct (Z.eqb_spec (port_at (k + 1)) start) as [E|E].
    + apply port_at_start in E; [|lia]. eexists _, _. split; [done|]. split; [apply port_at_range|]. split; [done|].
      intros p (j & Hj & ->)%port_at_covers. apply Hno'. lia.
    + apply IH; [lia| |done]. split; [lia|]. destruct (Z.eq_dec (k + 1) 16384) as [Ek|]; [|lia]. exfalso. apply E. apply port_at_start; lia.
Qed.
End Ephemeral.

(** C40. The search for a port ends, within as many steps as there are ephemeral
    ports; it returns the first port from the position of the process on, in
    cyclic order, that can be bound, and fails with EADDRINUSE exactly when
    none of them can. *)
Theorem ephemeral_search_complete can next : 0 <= next <= u16_max ->
  exists next' r, search_ephemeral_port can next = Some (next', r) /\ first_ephemeral <= next' <= u16_max /\
  match r with
  | Ok p => first_ephemeral <= p <= u16_max /\ can p = true
      /\ exists j, 0 <= j /\ p = port_at (Z.max next first_ephemeral) j
           /\ forall i, 0 <= i < j -> can (port_at (Z.max next first_ephemeral) i) = false
  | Err e => e = EADDRINUSE /\ forall p, first_ephemeral <= p <= u16_max -> can p = false
  end.
Proof.
  intros Hn. unfold search_ephemeral_port. set (start := if next <? first_ephemeral then first_ephemeral else next).
  assert (start = Z.max next first_ephemeral) as Hs by (unfold start; destruct (Z.ltb_spec next first_ephemeral); lia).
  rewrite <- Hs. assert (first_ephemeral <= start <= u16_max) as Hr by (unfold first_ephemeral, u16_max in *; lia).
  destruct (ephemeral_loop_spec start Hr can ephemeral_ports 0) as (next' & r & E & Hr' & Hspec); [done|lia|lia|].
  rewrite port_at_0 in E by done. exists next', r. split; [done|]. split; [done|]. destruct r as [p|e]; [|done].
  destruct Hspec as (j & Hj & -> & Hc & Hno). split_and!; try done; try apply port_at_range. exists j. split_and!; [lia|done|done].
Qed.

Lemma ephemeral_search_complete_witness : exists next' r, search_ephemeral_port (fun p => p =? 50000) 65530 = Some (next', r)
  /\ first_ephemeral <= next' <= u16_max.
Proof.
  destruct (ephemeral_search_complete (fun p => p =? 50000) 65530) as (next' & r & E & Hr & _); [unfold u16_max; lia|].
  exists next', r. split; [exact E|exact Hr].
Defined.

(** The search wraps around at the last port. *)
Example search_wraps : search_ephemeral_port (fun p => p =? 50000) 65530 = Some (50001, Ok 50000).
Proof. vm_compute. reflexivity. Qed.

(** ** Who holds what *)

Section Holding.
Context {T : Type} `{PortTable T}.
Implicit Types (t : IoBuffer T) (o : BindingOwner) (Q : T -> Prop).

Lemma holds_drop keep o Q t : placed Q -> holds o Q (drop_owners keep t) <-> keep o = true /\ holds o Q t.
Proof.
  intros HQ. split.
  - intros (b' & (b & Hb & -> & _)%in_drop_owners & Ho & Hq). apply owned_kept in Ho as [Ho Hk]. split; [done|]. exists b. split_and!; [done..|]. by apply HQ in Hq.
  - intros [Hk Hh]. by apply (drop_owners_keeps keep t o Q); [rewrite Hk|..].
Qed.

Lemma holds_remove pid idx o Q t : placed Q -> holds o Q (remove_binding_owner pid idx t) <-> o <> mkOwner pid idx /\ holds o Q t.
Proof. intros HQ. unfold remove_binding_owner. rewrite holds_drop by done. by rewrite keep_other. Qed.

Lemma holds_cleanup pid o Q t : placed Q -> holds o Q (cleanup_binding_owner_pid pid t) <-> owner_pid o <> pid /\ holds o Q t.
Proof. intros HQ. unfold cleanup_binding_owner_pid. rewrite holds_drop by done. by rewrite negb_true_iff, Z.eqb_neq. Qed.

Lemma holds_registered me port same mk t t' o Q : registered me port same mk t t' (Ok tt) -> unowned me t ->
  (forall l, owners (mk l) = l) -> (forall l, Q (mk l) <-> Q (mk new)) -> placed Q ->
  holds o Q t' <-> o = me /\ Q (mk new) \/ holds o Q t.
Proof.
  intros (_ & [(_ & b & Hb & _ & Ho)|(_ & own & Hown & Hv)]) Hun Hmk HQmk HQ; [by destruct (Hun b Hb)|].
  assert (holds o Q t' <-> holds o Q (remove_binding_owner (owner_pid me) (owner_sock_idx me) t) \/ o = me /\ Q (mk new)) as ->.
  { unfold holds. rewrite Hv. split.
    - intros (b & [Hb|[<-|[]]]%in_app_iff & Ho & Hq); [left; by exists b|]. right. unfold owned in Ho. rewrite Hmk, Hown in Ho.
      apply list_elem_of_singleton in Ho. split; [done|]. by apply HQmk in Hq.
    - intros [(b & Hb & ? & ?)|[-> Hq]]; [exists b; split; [apply in_app_iff; by left|done]|].
      exists (mk own). split; [apply in_app_iff; right; by left|]. split; [unfold owned; rewrite Hmk, Hown; by apply list_elem_of_singleton|by apply HQmk]. }
  rewrite holds_remove by done. destruct me as [pid idx]. simpl. split; [tauto|]. intros [?|Hh]; [by right|]. left. split; [|done].
  intros ->. destruct Hh as (b & Hb & Ho & _). by apply (Hun b Hb).
Qed.

Lemma holds_extended parent child o Q t t' : values t' = map (extended parent child) (values t) -> placed Q ->
  holds o Q t' <-> holds o Q t \/ o = child /\ holds parent Q t.
Proof.
  intros Hv HQ. assert (forall b, Q (extended parent child b) <-> Q b) as HQe by (intros b; unfold extended; destruct (inherits _ _ b); [apply HQ|done]).
  unfold holds. rewrite Hv. split.
  - intros (b' & (b & <- & Hb)%in_map_iff & Ho & Hq). apply (proj1 (HQe b)) in Hq. apply owned_extended in Ho as [Ho|[-> Ho]]; [left; by exists b|right; split; [done|by exists b]].
  - intros [(b & Hb & Ho & Hq)|[-> (b & Hb & Ho & Hq)]]; exists (extended parent child b); (split; [by apply in_map|]);
      (split; [apply owned_extended; auto|by apply HQe]).
Qed.

Lemma holds_regrown o Q t t' : Forall2 regrown (values t) (values t') -> placed Q -> holds o Q t' <-> holds o Q t.
Proof.
  intros Hl HQ. split; [|intros Hh; apply (regrown_keeps t t' Hl o Q); [tauto|done|done]]. intros (b' & Hb & Ho & Hq). apply list_elem_of_In, list_elem_of_lookup_1 in Hb as (i & Hi).
  destruct (Forall2_lookup_r _ _ _ _ _ Hl Hi) as (b & Hi' & c & -> & _). exists b. split_and!.
  - by eapply list_elem_of_In, list_elem_of_lookup_2.
  - unfold owned in *. by rewrite owners_set in Ho.
  - by apply HQ in Hq.
Qed.
End Holding.

Inductive Kind : Type := Udp | Udp6 | Tcp | Tcp6.
#[global] Instance Kind_eq_dec : EqDecision Kind.
Proof. solve_decision. Defined.

(** A table lists the socket under an address and a port. *)
Definition held (B : BindingTables) (k : Kind) (o : BindingOwner) (a : list Z) (p : Z) : Prop :=
  match k with
  | Udp => holds o (fun b => udp_addr b = a /\ udp_port b = p) (udp_bindings B)
  | Udp6 => holds o (fun b => udp6_addr b = a /\ udp6_port b = p) (udp6_bindings B)
  | Tcp => holds o (fun b => tcp_addr b = a /\ tcp_port b = p) (tcp_bindings B)
  | Tcp6 => holds o (fun b => tcp6_addr b = a /\ tcp6_port b = p) (tcp6_bindings B)
  end.

Definition unheld (B : BindingTables) (k : Kind) (o : BindingOwner) : Prop := forall a p, ~ held B k o a p.

Lemma unheld_unowned B o : (forall k, unheld B k o) -> owns_nothing o B.
Proof.
  intros Hun. split_and!; intros b Hb Ho; [eapply (Hun Udp)|eapply (Hun Udp6)|eapply (Hun Tcp)|eapply (Hun Tcp6)]; exists b; split_and!; done.
Qed.

(** Two states of the tables list the same sockets, but for one. *)
Definition listed_more (B B' : BindingTables) (k : Kind) (me : BindingOwner) (addr : list Z) (port : Z) : Prop :=
  forall k' o a p, held B' k' o a p <-> k' = k /\ o = me /\ a = addr /\ p = port \/ held B k' o a p.

(** Two addresses of stream sockets that cannot both be bound to a port. *)
Definition stream_clash (k : Kind) (a b : list Z) : bool :=
  match k with Tcp => tcp_addr_conflicts a b | Tcp6 => tcp6_addr_conflicts a b | Udp | Udp6 => false end.

Lemma stream_clash_sym k a b : stream_clash k a b = stream_clash k b a.
Proof. destruct k; simpl; try done; unfold tcp_addr_conflicts, tcp6_addr_conflicts; apply conflict_sym. Qed.

(** No stream socket holds the port under a conflicting address. *)
Definition free_place (B : BindingTables) (k : Kind) (addr : list Z) (port : Z) : Prop :=
  forall o a, held B k o a port -> stream_clash k a addr = false.

Lemma registered_free {T} `{PortTable T} me port same mk (t t' : IoBuffer T) : registered me port same mk t t' (Ok tt) -> unowned me t ->
  forall b, In b (values t) -> clash b (mk new) = false.
Proof.
  intros (_ & [(_ & b & Hb & _ & Ho)|(Hclash & _)]) Hun x Hx; [by destruct (Hun b Hb)|]. destruct (clash x (mk new)) eqn:E; [|done].
  specialize (Hclash x Hx E). destruct (Hun x Hx). unfold owned. rewrite Hclash. by apply list_elem_of_singleton.
Qed.

(** A registration: all or nothing. *)
Definition registers (k : Kind) (me : BindingOwner) (addr : list Z) (port : Z) (m : op BindingTables unit) : Prop :=
  forall B, tables_ok B -> unheld B k me -> exists B' r, m B = Some (B', r) /\ tables_ok B' /\
  match r with
  | Ok _ => port <> 0 /\ listed_more B B' k me addr port /\ free_place B k addr port
  | Err _ => B' = B
  end.

Definition unregisters (k : Kind) (me : BindingOwner) (m : op BindingTables unit) : Prop :=
  forall B, tables_ok B -> exists B', m B = Some (B', Ok tt) /\ tables_ok B' /\ forall k' o a p, held B' k' o a p <-> held B k' o a p /\ ~ (k' = k /\ o = me).

Lemma udp_registers so sb mem pid idx addr port reuse :
  registers Udp (mkOwner pid idx) addr port (on_udp (udp_register so sb mem pid idx addr port reuse)).
Proof.
  intros B [K1 K2 K3 K4] Hun. unfold on_udp. destruct (udp_register_spec so sb mem pid idx addr port reuse _ K1) as (t' & r & -> & Hok' & Hr).
  eexists _, r. split; [done|]. split; [by split|]. destruct r as [[]|e]; [|destruct Hr as [-> _]; by destruct B]. split; [by destruct Hr|]. split; [|by intros o a].
  intros [] o a p; cbn [held udp_bindings udp6_bindings tcp_bindings tcp6_bindings]; [|naive_solver..].
  rewrite (holds_registered _ _ _ _ _ _ _ _ Hr); [cbn; naive_solver| |done|done|done]. intros b Hb Ho. eapply (Hun (udp_addr b) (udp_port b)). by exists b.
Qed.
Lemma udp6_registers so sb mem pid idx addr port reuse :
  registers Udp6 (mkOwner pid idx) addr port (on_udp6 (udp6_register so sb mem pid idx addr port reuse)).
Proof.
  intros B [K1 K2 K3 K4] Hun. unfold on_udp6. destruct (udp6_register_spec so sb mem pid idx addr port reuse _ K2) as (t' & r & -> & Hok' & Hr).
  eexists _, r. split; [done|]. split; [by split|]. destruct r as [[]|e]; [|destruct Hr as [-> _]; by destruct B]. split; [by destruct Hr|]. split; [|by intros o a].
  intros [] o a p; cbn [held udp_bindings udp6_bindings tcp_bindings tcp6_bindings]; [naive_solver| |naive_solver..].
  rewrite (holds_registered _ _ _ _ _ _ _ _ Hr); [cbn; naive_solver| |done|done|done]. intros b Hb Ho. eapply (Hun (udp6_addr b) (udp6_port b)). by exists b.
Qed.
Lemma tcp_registers so sb mem pid idx addr port :
  registers Tcp (mkOwner pid idx) addr port (on_tcp (tcp_register so sb mem pid idx addr port)).
Proof.
  intros B [K1 K2 K3 K4] Hun. unfold on_tcp. destruct (tcp_register_spec so sb mem pid idx addr port _ K3) as (t' & r & -> & Hok' & Hr).
  eexists _, r. split; [done|]. split; [by split|]. destruct r as [[]|e]; [|destruct Hr as [-> _]; by destruct B]. split; [by destruct Hr|].
  assert (unowned (mkOwner pid idx) (tcp_bindings B)) as Hun' by (intros b Hb Ho; eapply (Hun (tcp_addr b) (tcp_port b)); by exists b).
  split; [|intros o a (b & Hb & _ & <- & Hport); pose proof (registered_free _ _ _ _ _ _ Hr Hun' b Hb) as Hc; cbn in Hc; by rewrite Hport, Z.eqb_refl in Hc].
  intros [] o a p; cbn [held udp_bindings udp6_bindings tcp_bindings tcp6_bindings]; [naive_solver|naive_solver| |naive_solver].
  rewrite (holds_registered _ _ _ _ _ _ _ _ Hr); [cbn; naive_solver|done..].
Qed.
Lemma tcp6_registers so sb mem pid idx addr port :
  registers Tcp6 (mkOwner pid idx) addr port (on_tcp6 (tcp6_register so sb mem pid idx addr port)).
Proof.
  intros B [K1 K2 K3 K4] Hun. unfold on_tcp6. destruct (tcp6_register_spec so sb mem pid idx addr port _ K4) as (t' & r & -> & Hok' & Hr).
  eexists _, r. split; [done|]. split; [by split|]. destruct r as [[]|e]; [|destruct Hr as [-> _]; by destruct B]. split; [by destruct Hr|].
  assert (unowned (mkOwner pid idx) (tcp6_bindings B)) as Hun' by (intros b Hb Ho; eapply (Hun (tcp6_addr b) (tcp6_port b)); by exists b).
  split; [|intros o a (b & Hb & _ & <- & Hport); pose proof (registered_free _ _ _ _ _ _ Hr Hun' b Hb) as Hc; cbn in Hc; by rewrite Hport, Z.eqb_refl in Hc].
  intros [] o a p; cbn [held udp_bindings udp6_bindings tcp_bindings tcp6_bindings]; [naive_solver..|].
  rewrite (holds_registered _ _ _ _ _ _ _ _ Hr); [cbn; naive_solver|done..].
Qed.

Lemma udp_unregisters pid idx : unregisters Udp (mkOwner pid idx) (on_udp (op_modify (udp_unregister pid idx))).
Proof.
  intros B [K1 K2 K3 K4]. eexists. split; [done|]. split; [split; try done; by apply drop_owners_ok|].
  intros [] o a p; cbn [held udp_bindings udp6_bindings tcp_bindings tcp6_bindings]; [|naive_solver..].
  unfold udp_unregister. rewrite holds_remove by done. naive_solver.
Qed.
Lemma tcp6_unregisters pid idx : unregisters Tcp6 (mkOwner pid idx) (on_tcp6 (op_modify (tcp6_unregister pid idx))).
Proof.
  intros B [K1 K2 K3 K4]. eexists. split; [done|]. split; [split; try done; by apply drop_owners_ok|].
  intros [] o a p; cbn [held udp_bindings udp6_bindings tcp_bindings tcp6_bindings]; [naive_solver..|].
  unfold tcp6_unregister. rewrite holds_remove by done. naive_solver.
Qed.

(** ** One bind *)

Section Bind.
Context {F D : Type}.
Variable so su su6 sb sb6 : Z.
Variable host_udp_bind : Z -> list Z -> Z -> result unit.
Variable bind_unix : nat -> list Z -> op (NetProc F * NetWorld F D) unit.
Abbreviation State := (NetProc F * NetWorld F D)%type.
Implicit Types (st : State) (s : SocketInfo F).

Definition tables_of st : BindingTables := port_tables (snd st).
Definition owner_of st (idx : nat) : BindingOwner := mkOwner (proc_pid (fst st)) (Z.of_nat idx).

(** The bindings a socket should have, from the address it reports. *)
Definition expected (k : Kind) s : option (list Z * Z) :=
  if bind_port (names s) =? 0 then None
  else
    match k, domain s, sock_type s with
    | Udp, Inet, Dgram | Tcp, Inet, SockStream => Some (bind_addr (names s), bind_port (names s))
    | Udp6, Inet6, Dgram | Tcp6, Inet6, SockStream => Some (bind_addr6 (names s), bind_port (names s))
    | Tcp, Inet6, SockStream =>
        if is_unspecified_addr6 (bind_addr6 (names s)) && negb (ipv6_v6only s) then Some (any4, bind_port (names s)) else None
    | _, _, _ => None
    end.

(** Only the tables, the sockets and the next port change. *)
Record framed st st' : Prop := {
  fr_pid : proc_pid (fst st') = proc_pid (fst st);
  fr_fds : descriptors (fst st') = descriptors (fst st);
  fr_world : snd st' = with_tables (tables_of st') (snd st);
  fr_next : first_ephemeral <= next_ephemeral_port (fst st') <= u16_max;
}.

(** A bind that fails leaves the sockets and what the tables list; one that
    succeeds changes the address, the port and the state of the socket and
    lists it as it then should be, in places no other stream socket holds. *)
Definition bound_or_nothing st (idx : nat) s st' (r : result unit) : Prop :=
  match r with
  | Ok _ => exists n, let s' := with_names s n Bound in
      slot_set (proc_sockets (fst st)) (proc_sockets (fst st')) idx (Some s') /\ bind_port n <> 0
      /\ (forall k o a p, held (tables_of st') k o a p <-> o = owner_of st idx /\ expected k s' = Some (a, p) \/ held (tables_of st) k o a p)
      /\ forall k a p, expected k s' = Some (a, p) -> free_place (tables_of st) k a p
  | Err _ => proc_sockets (fst st') = proc_sockets (fst st) /\ forall k o a p, held (tables_of st') k o a p <-> held (tables_of st) k o a p
  end.

Record bindable st (idx : nat) s : Prop := {
  bi_tables : tables_ok (tables_of st);
  bi_sockets : sockets_ok (proc_sockets (fst st));
  bi_socket : Socket.get (proc_sockets (fst st)) idx = Some s;
  bi_state : state s = Unbound;
  bi_next : first_ephemeral <= next_ephemeral_port (fst st) <= u16_max;
  bi_free : forall k, unheld (tables_of st) k (owner_of st idx);
}.

(** The outcome of every arm. *)
Definition binds (pid : Z) (m : op State unit) (idx : nat) s : Prop :=
  forall st, proc_pid (fst st) = pid -> bindable st idx s -> exists st' r, m st = Some (st', r) /\ tables_ok (tables_of st') /\ framed st st' /\ bound_or_nothing st idx s st' r.

Lemma framed_refl st : first_ephemeral <= next_ephemeral_port (fst st) <= u16_max -> framed st st.
Proof. intros Hn. split; try done. destruct st as [p w]. unfold tables_of. simpl. by destruct w. Qed.

Lemma binds_err pid e idx s : binds pid (op_err e) idx s.
Proof. intros st _ [H1 H2 H3 H4 H5 H6]. exists st, (Err e). split; [done|]. split; [done|]. split; [by apply framed_refl|done]. Qed.

(** Choosing a port changes the next port only. *)
Definition chooses (m : op State Z) : Prop :=
  forall st, first_ephemeral <= next_ephemeral_port (fst st) <= u16_max ->
  exists next r, m st = Some ((with_next_port next (fst st), snd st), r) /\ first_ephemeral <= next <= u16_max.

Lemma chooses_given port : chooses (op_ret port).
Proof. intros [p w] Hn. eexists (next_ephemeral_port p), (Ok port). split; [|done]. unfold op_ret, with_next_port. simpl. by destruct p. Qed.

Lemma chooses_search can : chooses (assign_ephemeral can).
Proof.
  intros st Hn. unfold assign_ephemeral. destruct (ephemeral_loop_spec (next_ephemeral_port (fst st)) Hn (can (port_tables (snd st))) ephemeral_ports 0)
    as (next & r & E & Hr & _); [done|lia|lia|]. rewrite port_at_0 in E by done. unfold search_ephemeral_port.
  rewrite (proj2 (Z.ltb_ge _ _)) by lia. rewrite E. by eexists _, _.
Qed.

Lemma chooses_next : chooses (fun st => let (next, p) := take_ephemeral_port (next_ephemeral_port (fst st)) in
  Some ((with_next_port next (fst st), snd st), Ok p)).
Proof.
  intros st Hn. unfold take_ephemeral_port. eexists _, _. split; [done|]. unfold wrapping_add, first_ephemeral, u16_max in *. change (2 ^ 16) with 65536.
  destruct (Z.eq_dec (next_ephemeral_port (fst st)) 65535) as [->|]; [vm_compute; split; discriminate|]. rewrite Z.mod_small by lia.
  destruct (Z.eqb_spec (next_ephemeral_port (fst st) + 1) 0); lia.
Qed.

Lemma bindable_next st idx s next : bindable st idx s -> first_ephemeral <= next <= u16_max ->
  bindable (with_next_port next (fst st), snd st) idx s.
Proof. intros [H1 H2 H3 H4 H5 H6] Hn. by split. Qed.

Lemma binds_choose pid m k idx s : chooses m -> (forall port, binds pid (k port) idx s) -> binds pid (do! port <- m; k port) idx s.
Proof.
  intros Hm Hk st Hpid Hb. pose proof Hb as [H1 H2 H3 H4 H5 H6]. destruct (Hm st H5) as (next & r & E & Hn). unfold op_bind. rewrite E.
  pose proof (bindable_next st idx s next Hb Hn) as Hb'. destruct r as [port|e].
  - destruct (Hk port (with_next_port next (fst st), snd st) Hpid Hb') as (st' & r & Er & Hok & [F1 F2 F3 F4] & Hbn). exists st', r. split; [done|]. split; [done|]. split; [by split|done].
  - exists (with_next_port next (fst st), snd st), (Err e). split; [done|]. split; [done|]. split; [|done].
    split; try done. unfold tables_of. simpl. by destruct (snd st).
Qed.

Lemma binds_ext pid (m m' : op State unit) idx s : (forall st, m st = m' st) -> binds pid m' idx s -> binds pid m idx s.
Proof. intros E H st. rewrite E. apply H. Qed.

(** What the table operations of an arm do together: list the socket under
    [E], or nothing. *)
Definition lists (me : BindingOwner) (E : Kind -> option (list Z * Z)) (port : Z) (m : op BindingTables unit) : Prop :=
  forall B, tables_ok B -> (forall k, unheld B k me) -> exists B' r, m B = Some (B', r) /\ tables_ok B' /\
  match r with
  | Ok _ => port <> 0 /\ (forall k o a p, held B' k o a p <-> o = me /\ E k = Some (a, p) \/ held B k o a p)
      /\ forall k a p, E k = Some (a, p) -> free_place B k a p
  | Err _ => forall k o a p, held B' k o a p <-> held B k o a p
  end.

Lemma binds_finish pid idx s E n (M : op State unit) m f : lists (mkOwner pid (Z.of_nat idx)) E (bind_port n) m ->
  (forall st, M st = on_tables m st) -> f s = with_names s n Bound ->
  (bind_port n <> 0 -> forall k, expected k (with_names s n Bound) = E k) ->
  binds pid (do! _ <- M; store_socket idx f) idx s.
Proof.
  intros Hm HM Hf HE st Hpid [H1 H2 H3 H4 H5 H6]. unfold op_bind. rewrite HM. unfold on_tables. unfold tables_of, owner_of in *. rewrite Hpid in H6.
  destruct (Hm (port_tables (snd st)) H1 H6) as (B' & r & -> & Hok & Hr). destruct r as [u|e].
  - destruct Hr as (Hport & Hheld & Hfree). unfold store_socket. cbn [fst snd]. rewrite H3. eexists _, (Ok tt). split; [done|]. split; [done|]. split; [by split|].
    exists n. cbn zeta. cbn [fst snd with_sockets proc_sockets with_tables port_tables]. unfold Socket.update. rewrite H3, Hf. split_and!; [|done|..].
    + apply put_slot_set; [done|]. apply get_lookup in H3. by eapply lookup_lt_Some.
    + intros k o a p. unfold tables_of, owner_of. simpl. rewrite Hpid, Hheld, HE by done. done.
    + intros k a p. rewrite HE by done. apply Hfree.
  - eexists _, (Err e). split; [done|]. split; [done|]. split; [by split|]. split; [done|]. intros k o a p. apply Hr.
Qed.

Lemma on_tables_bind {A B} (m : op BindingTables A) (k : A -> op BindingTables B) st :
  on_tables (F := F) (D := D) (op_bind m k) st = op_bind (on_tables m) (fun a => on_tables (k a)) st.
Proof.
  destruct st as [p w]. unfold on_tables, op_bind. simpl. destruct (m (port_tables w)) as [[B1 [a|e]]|]; simpl; try done.
Qed.

Lemma op_bind_assoc {S A B C} (m : op S A) (k : A -> op S B) (j : B -> op S C) (x : S) :
  op_bind m (fun a => op_bind (k a) j) x = op_bind (op_bind m k) j x.
Proof. unfold op_bind. destruct (m x) as [[s1 [a|e]]|]; done. Qed.

Lemma listed_one me k addr port B B' : listed_more B B' k me addr port ->
  forall k' o a p, held B' k' o a p <-> o = me /\ (if bool_decide (k' = k) then Some (addr, port) else None) = Some (a, p) \/ held B k' o a p.
Proof. intros H k' o a p. rewrite (H k' o a p). case_bool_decide; naive_solver. Qed.

(** The tables' part of a UDP bind, with the host's answer. *)
Definition udp_listing (mem : BindMemory) (pid : Z) (idx : nat) (addr : list Z) (port : Z) (reuse : bool) : op BindingTables unit :=
  do! _ <- on_udp (udp_register so su mem pid (Z.of_nat idx) addr port reuse);
  if is_loopback_addr addr then op_ret tt
  else
    match host_udp_bind (as_i32 (Z.of_nat idx)) addr port with
    | Ok _ => op_ret tt
    | Err e => do! _ <- on_udp (op_modify (udp_unregister pid (Z.of_nat idx))); op_err e
    end.

Definition only (k : Kind) (addr : list Z) (port : Z) (k' : Kind) : option (list Z * Z) := if bool_decide (k' = k) then Some (addr, port) else None.

Lemma only_free k addr port B : free_place B k addr port -> forall k' a p, only k addr port k' = Some (a, p) -> free_place B k' a p.
Proof. intros H k' a p. unfold only. case_bool_decide; [|done]. intros [= <- <-]. by subst. Qed.

Lemma udp_lists mem pid idx addr port reuse : lists (mkOwner pid (Z.of_nat idx)) (only Udp addr port) port (udp_listing mem pid idx addr port reuse).
Proof.
  intros B Hok Hun. unfold udp_listing, op_bind. destruct (udp_registers so su mem pid (Z.of_nat idx) addr port reuse B Hok (Hun Udp)) as (B1 & [u|e] & -> & Hok1 & Hr);
    [|by subst; eexists B, (Err e)]. destruct Hr as (Hp & Hl & Hfr). pose proof (only_free _ _ _ _ Hfr) as Hof. pose proof (listed_one _ _ _ _ _ _ Hl) as Hone.
  destruct (is_loopback_addr addr); [by eexists _, (Ok tt)|]. destruct (host_udp_bind _ _ _) as [v|e]; [by eexists _, (Ok tt)|].
  destruct (udp_unregisters pid (Z.of_nat idx) B1 Hok1) as (B2 & -> & Hok2 & Hu). eexists B2, (Err e). split; [done|]. split; [done|].
  intros k o a p. rewrite Hu, (Hl k o a p). split; [naive_solver|]. intros Hh. split; [by right|]. intros [-> ->]. by apply (Hun Udp a p).
Qed.

Lemma udp6_lists mem pid idx addr port reuse :
  lists (mkOwner pid (Z.of_nat idx)) (only Udp6 addr port) port (on_udp6 (udp6_register so su6 mem pid (Z.of_nat idx) addr port reuse)).
Proof.
  intros B Hok Hun. destruct (udp6_registers so su6 mem pid (Z.of_nat idx) addr port reuse B Hok (Hun Udp6)) as (B1 & r & -> & Hok1 & Hr).
  eexists _, r. split; [done|]. split; [done|]. destruct r as [u|e]; [|by subst]. destruct Hr as (Hp & Hl & Hfr). pose proof (only_free _ _ _ _ Hfr) as Hof. split; [done|]. split; [by apply listed_one|done].
Qed.

Lemma tcp_lists mem pid idx addr port :
  lists (mkOwner pid (Z.of_nat idx)) (only Tcp addr port) port (on_tcp (tcp_register so sb mem pid (Z.of_nat idx) addr port)).
Proof.
  intros B Hok Hun. destruct (tcp_registers so sb mem pid (Z.of_nat idx) addr port B Hok (Hun Tcp)) as (B1 & r & -> & Hok1 & Hr).
  eexists _, r. split; [done|]. split; [done|]. destruct r as [u|e]; [|by subst]. destruct Hr as (Hp & Hl & Hfr). pose proof (only_free _ _ _ _ Hfr) as Hof. split; [done|]. split; [by apply listed_one|done].
Qed.

(** The tables' part of an IPv6 stream bind: both tables or none. *)
Definition tcp6_listing (mem mem4 : BindMemory) (pid : Z) (idx : nat) (dual : bool) (ip : list Z) (port : Z) : op BindingTables unit :=
  do! _ <- on_tcp6 (tcp6_register so sb6 mem pid (Z.of_nat idx) ip port);
  if dual
  then op_match (on_tcp (tcp_register so sb mem4 pid (Z.of_nat idx) any4 port)) op_ret
         (fun err => do! _ <- on_tcp6 (op_modify (tcp6_unregister pid (Z.of_nat idx))); op_err err)
  else op_ret tt.

Definition stream6 (dual : bool) (ip : list Z) (port : Z) (k : Kind) : option (list Z * Z) :=
  match k with
  | Tcp6 => Some (ip, port)
  | Tcp => if dual then Some (any4, port) else None
  | _ => None
  end.

Lemma tcp6_lists mem mem4 pid idx dual ip port :
  lists (mkOwner pid (Z.of_nat idx)) (stream6 dual ip port) port (tcp6_listing mem mem4 pid idx dual ip port).
Proof.
  intros B Hok Hun. unfold tcp6_listing, op_bind. destruct (tcp6_registers so sb6 mem pid (Z.of_nat idx) ip port B Hok (Hun Tcp6)) as (B1 & [u|e] & -> & Hok1 & Hr);
    [|by subst; eexists B, (Err e)]. destruct Hr as (Hp & Hl & Hfr). destruct dual.
  - assert (unheld B1 Tcp (mkOwner pid (Z.of_nat idx))) as Hun1.
    { intros a p Hh. apply Hl in Hh as [(? & _)|Hh]; [done|]. by apply (Hun Tcp a p). }
    unfold op_match. destruct (tcp_registers so sb mem4 pid (Z.of_nat idx) any4 port B1 Hok1 Hun1) as (B2 & [v|e] & -> & Hok2 & Hr).
    + destruct Hr as (_ & Hl2 & Hfr2). eexists B2, (Ok v). split; [done|]. split; [done|]. split; [done|].
      split; [intros k o a p; rewrite (Hl2 k o a p), (Hl k o a p); destruct k; simpl; naive_solver|]. intros k a p.
      destruct k; simpl; intros [= <- <-]; [|done]. intros o a Hh. apply (Hfr2 o a), Hl. by right.
    + subst B2. destruct (tcp6_unregisters pid (Z.of_nat idx) B1 Hok1) as (B3 & -> & Hok3 & Hu). eexists B3, (Err e). split; [done|]. split; [done|].
      intros k o a p. rewrite Hu, (Hl k o a p). split; [naive_solver|]. intros Hh. split; [by right|]. intros [-> ->]. by apply (Hun Tcp6 a p).
  - eexists B1, (Ok tt). split; [done|]. split; [done|]. split; [done|]. split; [intros k o a p; rewrite (Hl k o a p); destruct k; simpl; naive_solver|].
    intros k a p. destruct k; simpl; [done..|]. by intros [= <- <-].
Qed.

Lemma binds_socket pid idx s (k : SocketInfo F -> op State unit) : binds pid (k s) idx s -> binds pid (do! sock <- socket_at idx; k sock) idx s.
Proof. intros H st Hpid Hb. unfold op_bind, socket_at. rewrite (bi_socket _ _ _ Hb). by apply H. Qed.

Lemma binds_pid pid idx s (k : Z -> op State unit) : binds pid (k pid) idx s -> binds pid (do! p <- pid_of; k p) idx s.
Proof. intros H st Hpid Hb. unfold op_bind, pid_of, op_get. rewrite Hpid. by apply H. Qed.

Lemma chooses_if (b : bool) (m m' : op State Z) : chooses m -> chooses m' -> chooses (if b then m else m').
Proof. by destruct b. Qed.

Ltac solve_expected := intros Hp k; unfold expected, only, stream6; cbn [names with_names domain sock_type set_bind_addr set_bind_addr6 bind_port bind_addr bind_addr6] in *;
  rewrite (proj2 (Z.eqb_neq _ _)) by done.

Lemma udp_bind_socket_binds pid mem idx addr port s : domain s = Inet -> sock_type s = Dgram -> state s = Unbound ->
  binds pid (udp_bind_socket so su host_udp_bind mem idx addr port) idx s.
Proof.
  intros Hd Ht Hs. unfold udp_bind_socket. apply binds_socket. destruct (negb (bind_device_allows_ipv4 s addr true)); [apply binds_err|].
  apply binds_pid. apply binds_choose.
  { apply chooses_if; [|apply chooses_given]. intros st Hn. unfold allocate_udp_ephemeral_port, op_bind, pid_of, op_get. by apply chooses_search. }
  intros assigned. set (f := fun s0 => _). set (M := do! _ <- on_tables (on_udp (udp_register so su mem pid (Z.of_nat idx) addr assigned (socket_reuse_addr s)));
    (if is_loopback_addr addr then op_ret tt
     else match host_udp_bind (as_i32 (Z.of_nat idx)) addr assigned with
          | Ok _ => op_ret tt
          | Err e => do! _ <- on_tables (F := F) (D := D) (on_udp (op_modify (udp_unregister pid (Z.of_nat idx)))); op_err e
          end)).
  apply (binds_ext _ _ (do! _ <- M; store_socket idx f)); [intros st; apply op_bind_assoc|].
  apply (binds_finish _ _ _ (only Udp addr assigned) (set_bind_addr (names s) addr assigned) _ (udp_listing mem pid idx addr assigned (socket_reuse_addr s))).
  - apply udp_lists.
  - intros st. unfold M, udp_listing. rewrite on_tables_bind. unfold op_bind. destruct (on_tables _ st) as [[st1 [u|e]]|]; [|done|done].
    destruct (is_loopback_addr addr); [destruct st1 as [p []]; done|]. destruct (host_udp_bind _ _ _); destruct st1 as [p []]; done.
  - unfold f, leave_unbound. by rewrite Hs, bool_decide_true.
  - solve_expected. rewrite Hd, Ht. by destruct k.
Qed.

Lemma udp6_bind_socket_binds pid mem idx addr port s : domain s = Inet6 -> sock_type s = Dgram -> state s = Unbound ->
  binds pid (udp6_bind_socket so su6 mem idx addr port) idx s.
Proof.
  intros Hd Ht Hs. unfold udp6_bind_socket. destruct (negb _); [apply binds_err|]. apply binds_socket. destruct (negb _); [apply binds_err|].
  apply binds_pid. apply binds_choose; [apply chooses_if; [apply chooses_search|apply chooses_given]|]. intros assigned.
  eapply (binds_finish _ _ _ (only Udp6 addr assigned) (set_bind_addr6 (names s) addr assigned)); [apply udp6_lists|done| |].
  - unfold leave_unbound. by rewrite Hs, bool_decide_true.
  - solve_expected. rewrite Hd, Ht. by destruct k.
Qed.

Lemma tcp_bind_socket_binds pid mem idx addr port s : domain s = Inet -> sock_type s = SockStream ->
  binds pid (tcp_bind_socket so sb mem s idx addr port) idx s.
Proof.
  intros Hd Ht. unfold tcp_bind_socket. destruct (negb _); [apply binds_err|]. apply binds_pid.
  apply binds_choose; [apply chooses_if; [apply chooses_next|apply chooses_given]|]. intros assigned.
  eapply (binds_finish _ _ _ (only Tcp addr assigned) (set_bind_addr (names s) addr assigned)); [apply tcp_lists|done|done|].
  solve_expected. rewrite Hd, Ht. by destruct k.
Qed.

Lemma tcp6_bind_socket_binds pid mem mem4 idx addr port s : domain s = Inet6 -> sock_type s = SockStream ->
  binds pid (tcp6_bind_socket so sb sb6 mem mem4 s idx addr port) idx s.
Proof.
  intros Hd Ht. unfold tcp6_bind_socket. destruct (negb _); [apply binds_err|]. destruct (negb _); [apply binds_err|]. cbv zeta.
  set (dual := is_unspecified_addr6 addr && negb (ipv6_v6only s)). apply binds_pid.
  apply binds_choose; [apply chooses_if; [apply chooses_search|apply chooses_given]|]. intros assigned. set (f := fun s0 => _).
  set (M := do! _ <- on_tables (on_tcp6 (tcp6_register so sb6 mem pid (Z.of_nat idx) addr assigned));
    (if dual then op_match (on_tables (F := F) (D := D) (on_tcp (tcp_register so sb mem4 pid (Z.of_nat idx) any4 assigned))) op_ret
       (fun err => do! _ <- on_tables (on_tcp6 (op_modify (tcp6_unregister pid (Z.of_nat idx)))); op_err err)
     else op_ret tt)).
  apply (binds_ext _ _ (do! _ <- M; store_socket idx f)); [intros st; apply op_bind_assoc|].
  apply (binds_finish _ _ _ (stream6 dual addr assigned) (set_bind_addr6 (names s) addr assigned) _ (tcp6_listing mem mem4 pid idx dual addr assigned)).
  - apply tcp6_lists.
  - intros st. unfold M, tcp6_listing. rewrite on_tables_bind. unfold op_bind. destruct (on_tables _ st) as [[st1 [u|e]]|]; [|done|done].
    destruct dual; [|by destruct st1 as [p []]]. unfold op_match, on_tables. destruct st1 as [p w]. cbn [fst snd].
    destruct (on_tcp _ (port_tables w)) as [[B1 [v|e]]|]; done.
  - done.
  - solve_expected. rewrite Hd, Ht. change (ipv6_v6only (with_names s (set_bind_addr6 (names s) addr assigned) Bound)) with (ipv6_v6only s). fold dual. by destruct k.
Qed.

Lemma bind_socket_binds pid mem idx addr s : domain s <> Unix -> state s = Unbound ->
  binds pid (bind_socket so su su6 sb sb6 host_udp_bind bind_unix mem idx addr) idx s.
Proof.
  intros Hd Hs. unfold bind_socket. apply binds_socket. rewrite Hs, bool_decide_true by done. cbn [negb].
  destruct (domain s) eqn:E; [done| |]; intros st Hpid Hb; unfold op_bind, op_lift.
  - destruct (parse_sockaddr_in addr) as [[ip port]|e]; [|by apply (binds_err pid e idx s)]. case_bool_decide as Ht.
    + by apply (udp_bind_socket_binds pid).
    + assert (sock_type s = SockStream) as Ht' by (by destruct (sock_type s)). by apply (tcp_bind_socket_binds pid).
  - destruct (parse_sockaddr_in6 addr) as [[ip port]|e]; [|by apply (binds_err pid e idx s)]. case_bool_decide as Ht.
    + by apply (udp6_bind_socket_binds pid).
    + assert (sock_type s = SockStream) as Ht' by (by destruct (sock_type s)). by apply (tcp6_bind_socket_binds pid).
Qed.
End Bind.
