(* ===== verification/PortMachine.v ===== *)
(** * Bound ports of several processes

    Processes create, bind, inherit and close Internet sockets and exit. The
    four port tables list exactly the sockets that report a bound address. *)

From S2P Require Import Prelude Fd OfdRefs Ofd Descriptors Pipe PipeTable IoBuffer Bindings BindInv BindThms Socket SocketThms Backlog InetBind InetThms.

Section Machine.
Context {F D : Type}.
Variable so su su6 sb sb6 slot sm sa sopt : Z.
Variable host_udp_bind : Z -> list Z -> Z -> result unit.
Variable bind_unix : nat -> list Z -> op (NetProc F * NetWorld F D) unit.

Record Machine : Type := mkMachine { procs : gmap Z (NetProc F); world : NetWorld F D }.
Implicit Types (m : Machine) (p : NetProc F) (w : NetWorld F D).

(** [next_ephemeral_port] of a new process. *)
Definition new_process (pid : Z) (d : Proc) (t : SocketTable F) : NetProc F := mkNetProc pid d first_ephemeral t.

(** What the removal of a process does to the port tables. *)
Definition cleanup_ports (pid : Z) (B : BindingTables) : BindingTables :=
  mkTables (udp_cleanup_process pid (udp_bindings B)) (udp6_cleanup_process pid (udp6_bindings B))
    (tcp_cleanup_process pid (tcp_bindings B)) (tcp6_cleanup_process pid (tcp6_bindings B)).

(** A child as fork makes it: copies of the sockets its descriptors name. *)
Definition child_sockets (table_mem roots_mem : Memory) (mem : nat -> SocketMemory) (t : SocketTable F) (roots : list nat) : option (SocketTable F) :=
  match try_clone_table slot sm sa sopt table_mem mem t with
  | Some (Ok c) => match retain_inherited_roots roots_mem roots c with Some (c', Ok _) => Some c' | _ => None end
  | _ => None
  end.

(** A ghost that numbers the sockets in the order of their creation and gives
    each slot the number of the socket it holds: a copy that fork makes keeps
    the number of its original. *)
Record Origins : Type := mkOrigins { origin : Z -> nat -> nat; births : nat }.
Implicit Types O : Origins.

Definition born (pid : Z) (r : result nat) O : Origins :=
  match r with
  | Ok i => mkOrigins (fun pid' i' => if decide (pid' = pid /\ i' = i) then births O else origin O pid' i') (S (births O))
  | Err _ => O
  end.
Definition copied (parent child : Z) O : Origins :=
  mkOrigins (fun pid i => if decide (pid = child) then origin O parent i else origin O pid i) (births O).

Inductive machine_step : Machine * Origins -> Machine * Origins -> Prop :=
  | step_process ps w O pid d : ps !! pid = None ->
      machine_step (mkMachine ps w, O) (mkMachine (<[pid := new_process pid d new_sockets]> ps) w, O)
  | step_socket ps w O pid p new_mem mem d t protocol s table r : ps !! pid = Some p ->
      try_new new_mem d t protocol = Some (Ok s) -> Socket.try_alloc slot mem s (proc_sockets p) = Some (table, r) ->
      machine_step (mkMachine ps w, O) (mkMachine (<[pid := with_sockets table p]> ps) w, born pid r O)
  | step_bind ps w O pid p idx s mem addr p' w' r : ps !! pid = Some p ->
      Socket.get (proc_sockets p) idx = Some s -> domain s <> Unix ->
      bind_socket so su su6 sb sb6 host_udp_bind bind_unix mem idx addr (p, w) = Some ((p', w'), r) ->
      machine_step (mkMachine ps w, O) (mkMachine (<[pid := p']> ps) w', O)
  | step_close ps w O pid p idx p' w' : ps !! pid = Some p -> close_socket idx (p, w) = Some (p', w') ->
      machine_step (mkMachine ps w, O) (mkMachine (<[pid := p']> ps) w', O)
  | step_fork ps w O parent child p d table_mem roots_mem smem mem roots c B1 B2 : ps !! parent = Some p -> ps !! child = None -> List.NoDup roots ->
      child_sockets table_mem roots_mem smem (proc_sockets p) roots = Some c ->
      prepare_sockets so mem parent child (map Z.of_nat roots) (port_tables w) = Some (B1, Ok tt) ->
      publish_sockets parent child (map Z.of_nat roots) B1 = Some B2 ->
      machine_step (mkMachine ps w, O) (mkMachine (<[child := new_process child d c]> ps) (with_tables B2 w), copied parent child O)
  | step_failed_fork ps w O parent child mem roots B1 e :
      prepare_sockets so mem parent child roots (port_tables w) = Some (B1, Err e) ->
      machine_step (mkMachine ps w, O) (mkMachine ps (with_tables B1 w), O)
  | step_exit ps w O pid :
      machine_step (mkMachine ps w, O) (mkMachine (delete pid ps) (with_tables (cleanup_ports pid (port_tables w)) w), O).

(** The binding a slot of a socket table should have. *)
Definition report (k : Kind) (t : SocketTable F) (i : nat) : option (list Z * Z) :=
  match Socket.get t i with Some s => expected k s | None => None end.

(** A process has an open socket that should be listed. *)
Definition reported (ps : gmap Z (NetProc F)) (k : Kind) (o : BindingOwner) (a : list Z) (port : Z) : Prop :=
  exists p i, ps !! owner_pid o = Some p /\ owner_sock_idx o = Z.of_nat i /\ report k (proc_sockets p) i = Some (a, port).

Record proc_ok (pid : Z) p : Prop := {
  po_pid : proc_pid p = pid;
  po_sockets : sockets_ok (proc_sockets p);
  po_next : first_ephemeral <= next_ephemeral_port p <= u16_max;
  po_unbound : forall i s, Socket.get (proc_sockets p) i = Some s -> state s = Unbound -> bind_port (names s) = 0;
}.

Record machine_ok m : Prop := {
  mo_tables : tables_ok (port_tables (world m));
  mo_procs : forall pid p, procs m !! pid = Some p -> proc_ok pid p;
  mo_exact : forall k o a port, held (port_tables (world m)) k o a port <-> reported (procs m) k o a port;
}.

Lemma expected_unbound (s : SocketInfo F) k : bind_port (names s) = 0 -> expected k s = None.
Proof. intros E. unfold expected. by rewrite E. Qed.

(** Replacing one process. *)
Lemma reported_insert ps pid p' k o a port : reported (<[pid := p']> ps) k o a port <->
  (owner_pid o = pid /\ exists i, owner_sock_idx o = Z.of_nat i /\ report k (proc_sockets p') i = Some (a, port))
  \/ owner_pid o <> pid /\ reported ps k o a port.
Proof.
  unfold reported. split.
  - intros (p & i & Hp & Hi & Hr). destruct (decide (owner_pid o = pid)) as [<-|Hne].
    + rewrite lookup_insert_eq in Hp. injection Hp as <-. left. split; [done|]. by exists i.
    + rewrite lookup_insert_ne in Hp by done. right. split; [done|]. by exists p, i.
  - intros [[<- (i & Hi & Hr)]|[Hne (p & i & Hp & Hi & Hr)]].
    + exists p', i. by rewrite lookup_insert_eq.
    + exists p, i. by rewrite lookup_insert_ne.
Qed.

Lemma reported_in ps p k o a port : ps !! owner_pid o = Some p ->
  reported ps k o a port <-> exists i, owner_sock_idx o = Z.of_nat i /\ report k (proc_sockets p) i = Some (a, port).
Proof.
  intros Hp. unfold reported. split.
  - intros (p' & i & Hp' & Hrest). rewrite Hp in Hp'. injection Hp' as <-. by exists i.
  - intros (i & Hrest). by exists p, i.
Qed.

Lemma reported_none ps k o a port : ps !! owner_pid o = None -> ~ reported ps k o a port.
Proof. intros Hn (p & i & Hp & _). congruence. Qed.

(** Replacing a process by one that reports the same. *)
Lemma reported_same ps pid p p' k o a port : ps !! pid = Some p ->
  (forall i, report k (proc_sockets p') i = report k (proc_sockets p) i) ->
  reported (<[pid := p']> ps) k o a port <-> reported ps k o a port.
Proof.
  intros Hp Hsame. rewrite reported_insert. destruct (decide (owner_pid o = pid)) as [<-|E]; [|tauto]. rewrite (reported_in ps p) by done.
  setoid_rewrite Hsame. tauto.
Qed.

Lemma procs_insert (ps : gmap Z (NetProc F)) pid p : (forall pid' p', ps !! pid' = Some p' -> proc_ok pid' p') -> proc_ok pid p ->
  forall pid' p', <[pid := p]> ps !! pid' = Some p' -> proc_ok pid' p'.
Proof. intros H Hp pid' p' [[<- <-]|[_ E]]%lookup_insert_Some; auto. Qed.

Lemma report_slot t t' i e k j : slot_set t t' i e -> report k t' j = if decide (j = i) then match e with Some s => expected k s | None => None end else report k t j.
Proof. intros [_ H]. unfold report. rewrite H. by case_decide. Qed.

(** ** Steps *)

Lemma step_socket_ok ps w pid p new_mem mem d t protocol s table r : machine_ok (mkMachine ps w) -> ps !! pid = Some p ->
  try_new new_mem d t protocol = Some (Ok s) -> Socket.try_alloc slot mem s (proc_sockets p) = Some (table, r) ->
  machine_ok (mkMachine (<[pid := with_sockets table p]> ps) w).
Proof.
  intros [M1 M2 M3] Hp Hs Ha. cbn [procs world] in *. pose proof (M2 _ _ Hp) as [P1 P2 P3 P4].
  assert (bind_port (names s) = 0) as Hport by (unfold try_new in Hs; destruct (copy_from _ _ _) as [[]|]; [injection Hs as <-; done|done|done]).
  destruct (socket_alloc_spec slot mem s (proc_sockets p) P2) as (table' & r' & E & Hr). rewrite Ha in E. injection E as <- <-. destruct r as [i|e].
  - destruct Hr as ([Hok Hset] & Hfree & _). split; cbn [procs world]; [done| |].
    + apply procs_insert; [done|]. split; cbn [with_sockets proc_pid proc_sockets next_ephemeral_port]; [done..|]. intros j s' Hj Hst.
      rewrite Hset in Hj. case_decide; [by injection Hj as <-|by apply (P4 j)].
    + intros k o a port. rewrite M3. symmetry. apply reported_same with (p := p); [done|]. intros j. cbn [with_sockets proc_sockets].
      rewrite (report_slot _ _ _ _ k j (conj Hok Hset)). case_decide; [|done]. subst. unfold report. by rewrite Hfree, expected_unbound.
  - destruct Hr as [-> _]. split; cbn [procs world]; [done| |].
    + apply procs_insert; [done|]. by split.
    + intros k o a port. rewrite M3. symmetry. by apply reported_same with (p := p).
Qed.

Lemma step_bind_ok ps w pid p idx s mem addr p' w' r : machine_ok (mkMachine ps w) -> ps !! pid = Some p ->
  Socket.get (proc_sockets p) idx = Some s -> domain s <> Unix ->
  bind_socket so su su6 sb sb6 host_udp_bind bind_unix mem idx addr (p, w) = Some ((p', w'), r) ->
  machine_ok (mkMachine (<[pid := p']> ps) w').
Proof.
  intros [M1 M2 M3] Hp Hs Hd Hb. cbn [procs world] in *. pose proof (M2 _ _ Hp) as [P1 P2 P3 P4].
  destruct (decide (state s = Unbound)) as [Hst|Hst].
  2: { unfold bind_socket, op_bind, socket_at in Hb. cbn [fst] in Hb. rewrite Hs in Hb. cbn [ok_or] in Hb. rewrite bool_decide_false in Hb by done.
       injection Hb as <- <- _. rewrite insert_id by done. by split. }
  assert (forall k, unheld (port_tables w) k (mkOwner pid (Z.of_nat idx))) as Hfree.
  { intros k a port Hh. apply M3, (reported_in ps p) in Hh as (i & Hi & Hr); [|done]. simpl in Hi. apply Nat2Z.inj in Hi as <-.
    unfold report in Hr. rewrite Hs, expected_unbound in Hr; [done|]. by apply (P4 idx). }
  destruct (bind_socket_binds so su su6 sb sb6 host_udp_bind bind_unix pid mem idx addr s Hd Hst (p, w)) as ([p1 w1] & r1 & E & T1 & [F1 F2 F3 F4] & Hr).
  { done. }
  { split; cbn [fst snd]; try done. unfold owner_of. simpl. by rewrite P1. }
  rewrite Hb in E. injection E as <- <- <-. unfold tables_of, owner_of in *. cbn [fst snd] in *. rewrite P1 in *. destruct r as [u|e].
  - destruct Hr as (n & Hset & Hn & Hheld & _). split; cbn [procs world]; [done| |].
    + apply procs_insert; [done|]. split; [congruence|by destruct Hset|done|]. intros i s' Hi Hst'. destruct Hset as [_ Hget]. rewrite Hget in Hi.
      case_decide; [by injection Hi as <-|by apply (P4 i)].
    + intros k o a port. rewrite Hheld, M3, reported_insert. destruct (decide (owner_pid o = pid)) as [Ho|Ho].
      * rewrite (reported_in ps p) by congruence. setoid_rewrite (report_slot _ _ _ _ k _ Hset). split.
        -- intros [[-> He]|(i & Hi & Hr)]; left; (split; [done|]); [exists idx; by rewrite decide_True|]. exists i. rewrite decide_False; [done|].
           intros ->. unfold report in Hr. rewrite Hs, expected_unbound in Hr by (by apply (P4 idx)). done.
        -- intros [[_ (i & Hi & Hr)]|[? _]]; [|done]. case_decide; [subst i; left|right; by exists i]. split; [|done]. destruct o as [op oi]. simpl in *. by subst.
      * split; [intros [[-> _]|?]; [done|by right]|intros [[? _]|[_ ?]]; [done|by right]].
  - destruct Hr as [Hsame Hheld]. cbn [fst snd] in Hsame. split; cbn [procs world]; [done| |].
    + apply procs_insert; [done|]. split; [congruence|by rewrite Hsame|done|by rewrite Hsame].
    + intros k o a port. rewrite Hheld, M3. symmetry. apply reported_same with (p := p); [done|]. by rewrite Hsame.
Qed.

(** The tables a close takes the socket out of. *)
Definition releases (k : Kind) (s : SocketInfo F) : bool :=
  match k, domain s, sock_type s with
  | Udp, Inet, Dgram | Udp6, Inet6, Dgram | Tcp, Inet, SockStream | Tcp, Inet6, SockStream | Tcp6, Inet6, SockStream => true
  | _, _, _ => false
  end.

Lemma expected_releases k (s : SocketInfo F) : releases k s = false -> expected k s = None.
Proof. unfold releases, expected. destruct (_ =? _); [done|]. by destruct k, (domain s), (sock_type s). Qed.

Lemma release_ports_spec pid idx (s : SocketInfo F) w : tables_ok (port_tables w) ->
  tables_ok (port_tables (release_ports pid idx s w))
  /\ forall k o a port, held (port_tables (release_ports pid idx s w)) k o a port
       <-> held (port_tables w) k o a port /\ ~ (o = mkOwner pid (Z.of_nat idx) /\ releases k s = true).
Proof.
  intros [K1 K2 K3 K4]. unfold release_ports, releases.
  assert (forall T (h : HasBindingOwners T) (P : PortTable T) (t : IoBuffer T) o Q, placed Q ->
    holds o Q (remove_binding_owner pid (Z.of_nat idx) t) <-> holds o Q t /\ ~ (o = mkOwner pid (Z.of_nat idx) /\ true = true)) as Hrem.
  { intros T h P t o Q HQ. rewrite holds_remove by done. naive_solver. }
  assert (forall P o, P <-> P /\ ~ (o = mkOwner pid (Z.of_nat idx) /\ false = true)) as Hkeep by naive_solver.
  destruct (domain s), (sock_type s); (split; [split; cbn; try done; by apply drop_owners_ok|]); intros [] o a p;
    cbn [with_tables note port_tables held udp_bindings udp6_bindings tcp_bindings tcp6_bindings];
    unfold udp_unregister, udp6_unregister, tcp_unregister, tcp6_unregister; first [exact (Hkeep _ o)|by refine (Hrem _ _ _ _ o _ _)].
Qed.

Lemma release_socket_tables pid idx (s : SocketInfo F) w w' : release_socket pid idx s w = Some w' ->
  exists w1, port_tables w1 = port_tables w /\ port_tables w' = port_tables (release_ports pid idx s w1).
Proof.
  unfold release_socket. intros E. exists (release_name pid idx s w). split; [unfold release_name; by destruct (bind_path (names s))|].
  destruct (release_connection s _) as [w2|] eqn:Ec; [|done]. injection E as <-.
  assert (forall e g (w0 : NetWorld F D), port_tables (release_end e g w0) = port_tables w0) as Hend
    by (intros e g w0; unfold release_end; destruct e as [i|]; [|done]; by destruct (PipeTable.get _ i)).
  rewrite !Hend. assert (port_tables (release_backlog s w2) = port_tables w2) as ->
    by (unfold release_backlog; destruct (shared_backlog_idx _); [|done]; by destruct (dec_ref _ _ _)).
  unfold release_connection in Ec. destruct (host_net_handle (link s)); [|by injection Ec as <-].
  destruct (host_net_handle_close_ref _ _) as [[n last]|]; [|done]. injection Ec as <-. by destruct last.
Qed.

Lemma forget_peers (t : SocketTable F) idx : sockets_ok t ->
  let t' := Socket.free idx (put_slots t (map (forget_peer idx) (socket_slots t))) in
  sockets_ok t' /\ forall j, Socket.get t' j = if decide (j = idx) then None else forget_peer idx (Socket.get t j).
Proof.
  intros Hok. split; [unfold sockets_ok, buf_ok, len, Socket.free, put_slots, socket_slots in *; cbn [entries values capacity]; by rewrite length_insert, length_map|]. intros j.
  unfold Socket.get, Socket.free, put_slots, socket_slots. cbn [entries values]. destruct (decide (j = idx)) as [->|Hne].
  - destruct (decide (idx < length (map (forget_peer idx) (values (entries t))))%nat) as [Hl|Hl].
    + by rewrite list_lookup_insert_eq.
    + rewrite list_insert_ge by lia. rewrite lookup_ge_None_2; [done|lia].
  - rewrite list_lookup_insert_ne by done. rewrite list_lookup_fmap. by destruct (values (entries t) !! j) as [[s|]|].
Qed.

Lemma step_close_ok ps w pid p idx p' w' : machine_ok (mkMachine ps w) -> ps !! pid = Some p -> close_socket idx (p, w) = Some (p', w') ->
  machine_ok (mkMachine (<[pid := p']> ps) w').
Proof.
  intros [M1 M2 M3] Hp Hc. cbn [procs world] in *. pose proof (M2 _ _ Hp) as [P1 P2 P3 P4]. unfold close_socket in Hc.
  destruct (forget_peers (proc_sockets p) idx P2) as [Hok Hget]. cbv zeta in Hc, Hok, Hget.
  assert (exists w1, (match Socket.get (proc_sockets p) idx with None => Some w | Some s => release_socket (proc_pid p) idx s w end) = Some w1
    /\ port_tables w' = port_tables w1 /\ p' = with_sockets (Socket.free idx (put_slots (proc_sockets p) (map (forget_peer idx) (socket_slots (proc_sockets p))))) p)
    as (w1 & Hrel & Hw & ->).
  { destruct (match Socket.get (proc_sockets p) idx with None => Some w | Some s => _ end) as [w1|]; [|done]. exists w1. injection Hc as <- <-.
    split_and!; [done| |done]. by destruct (match Socket.get (proc_sockets p) idx with Some s => _ | None => _ end). }
  assert (tables_ok (port_tables w1) /\ forall k o a port, held (port_tables w1) k o a port
    <-> held (port_tables w) k o a port /\ o <> mkOwner pid (Z.of_nat idx)) as [T1 Hheld].
  { assert (forall k a port, held (port_tables w) k (mkOwner pid (Z.of_nat idx)) a port -> report k (proc_sockets p) idx = Some (a, port)) as Hme.
    { intros k a port Hh. apply M3, (reported_in ps p) in Hh as (i & Hi & Hr); [|done]. simpl in Hi. by apply Nat2Z.inj in Hi as ->. }
    unfold report in Hme. destruct (Socket.get (proc_sockets p) idx) as [s|].
    - destruct (release_socket_tables _ _ _ _ _ Hrel) as (w0 & Hw0 & Hw1). rewrite <- Hw0 in *.
      destruct (release_ports_spec (proc_pid p) idx s w0 M1) as [T1 Hh]. rewrite Hw1. split; [done|]. intros k o a port. rewrite Hh, P1. split; [|naive_solver].
      intros [H1 H2]. split; [done|]. intros ->. destruct (releases k s) eqn:E; [by apply H2|]. apply expected_releases in E. by rewrite (Hme k a port H1) in E.
    - injection Hrel as <-. split; [done|]. intros k o a port. split; [|tauto]. intros Hh. split; [done|]. intros ->. by apply Hme in Hh. }
  split; cbn [procs world]; [by rewrite Hw| |].
  - apply procs_insert; [done|]. split; cbn [with_sockets proc_pid proc_sockets next_ephemeral_port]; [done..|]. intros i s Hi Hs. rewrite Hget in Hi.
    case_decide; [done|]. destruct (Socket.get (proc_sockets p) i) as [s0|] eqn:E; [|done]. apply (f_equal (option_map names)) in Hi as Hn.
    injection Hi as <-. rewrite <- (P4 i s0 E); [by case_bool_decide|]. by case_bool_decide.
  - intros k o a port. rewrite Hw, Hheld, M3, reported_insert. cbn [with_sockets proc_sockets]. destruct (decide (owner_pid o = pid)) as [Ho|Ho].
    + rewrite (reported_in ps p) by congruence.
      assert (forall i, report k (Socket.free idx (put_slots (proc_sockets p) (map (forget_peer idx) (socket_slots (proc_sockets p))))) i
        = if decide (i = idx) then None else report k (proc_sockets p) i) as Hrep.
      { intros i. unfold report. rewrite Hget. case_decide; [done|]. destruct (Socket.get (proc_sockets p) i) as [s|]; [|done]. simpl. by case_bool_decide. }
      split.
      * intros [(i & Hi & Hr) Hne]. left. split; [done|]. exists i. split; [done|]. rewrite Hrep, decide_False; [done|]. intros ->.
        apply Hne. destruct o. simpl in *. by subst.
      * intros [[_ (i & Hi & Hr)]|[? _]]; [|done]. rewrite Hrep in Hr. case_decide; [done|]. split; [by exists i|]. intros ->. simpl in Hi. by apply Nat2Z.inj in Hi.
    + split; [intros [? _]; by right|]. intros [[? _]|[_ ?]]; [done|]. split; [done|]. by intros ->.
Qed.

(** ** Forks *)

Lemma held_regrown B B' k o a port : regrown_tables B B' -> held B' k o a port <-> held B k o a port.
Proof. intros (R1 & R2 & R3 & R4). by destruct k; apply holds_regrown. Qed.

Lemma held_published parent child idx B B' k o a port : tables_ok B -> owns_nothing (mkOwner child idx) B ->
  publish_inet_binding_owners parent child idx B = Some B' ->
  held B' k o a port <-> held B k o a port \/ o = mkOwner child idx /\ held B k (mkOwner parent idx) a port.
Proof.
  intros Hok Hun E. destruct (publish_inet_spec _ _ _ _ _ Hok Hun E) as (_ & V1 & V2 & V3 & V4). by destruct k; apply holds_extended.
Qed.

Lemma publish_sockets_held parent child idxs B B2 : tables_ok B -> parent <> child -> List.NoDup idxs ->
  (forall i, In i idxs -> owns_nothing (mkOwner child i) B) -> publish_sockets parent child idxs B = Some B2 ->
  tables_ok B2 /\ forall k o a port, held B2 k o a port
    <-> held B k o a port \/ exists i, In i idxs /\ o = mkOwner child i /\ held B k (mkOwner parent i) a port.
Proof.
  intros Hok Hne Hnd. revert B Hok. induction Hnd as [|i idxs Hi Hnd IH]; intros B Hok Hun E; cbn [publish_sockets] in E.
  - injection E as <-. split; [done|]. intros k o a port. split; [by left|]. by intros [?|(i & [] & _)].
  - destruct (publish_inet_binding_owners parent child i B) as [B1|] eqn:E1; [|done]. cbn [mbind option_bind] in E.
    destruct (publish_inet_spec _ _ _ _ _ Hok (Hun i (or_introl eq_refl)) E1) as (Hok1 & V1 & V2 & V3 & V4).
    destruct (IH B1 Hok1) as [Hok2 Hh]; [|done|].
    { intros j Hj. destruct (Hun j (or_intror Hj)) as (N1 & N2 & N3 & N4). assert (i <> j) by (by intros ->). split_and!; by eapply unowned_extended. }
    split; [done|]. intros k o a port. rewrite Hh, (held_published parent child i B B1) by (try done; apply Hun; by left). split.
    + intros [[?|[-> ?]]|(j & Hj & -> & Hp)]; [by left|right; exists i; split; [by left|done]|]. right. exists j. split; [by right|]. split; [done|].
      apply (held_published parent child i B B1) in Hp as [?|[[= ? _] _]]; [done|done|done|apply Hun; by left|done].
    + intros [?|(j & [<-|Hj] & -> & Hp)]; [by left; left|left; by right|]. right. exists j. split_and!; [done..|].
      apply (held_published parent child i B B1); [done|apply Hun; by left|done|by left].
Qed.

Lemma child_report table_mem roots_mem mem t roots c k i : child_sockets table_mem roots_mem mem t roots = Some c ->
  report k c i = if decide (i ∈ roots) then report k t i else None.
Proof.
  unfold child_sockets. destruct (try_clone_table_makes slot sm sa sopt table_mem mem t) as (r & -> & Hr). destruct r as [c0|e]; [|done].
  destruct (Hr c0 eq_refl) as [Hok Hf]. pose proof (slot_copies t c0 Hf) as Hcopy.
  destruct (retain_inherited_roots_spec roots_mem roots c0 Hok) as (c' & r' & -> & Hr'). destruct r' as [u|e]; [|done]. intros [= <-].
  destruct Hr' as (_ & Hsome & Hget). unfold report. rewrite Hget. specialize (Hcopy i).
  assert (existsb (Nat.eqb i) roots = true <-> i ∈ roots) as Hin.
  { rewrite existsb_exists, list_elem_of_In. split; [by intros (x & Hx & ->%Nat.eqb_eq)|]. intros Hi. exists i. by rewrite Nat.eqb_refl. }
  destruct (Socket.get c0 i) as [s0|]; [|rewrite Hcopy; by case_decide]. destruct Hcopy as (s & -> & Hc).
  case_decide as Hi; [rewrite (proj2 Hin Hi)|by destruct (existsb (Nat.eqb i) roots); [destruct Hi; apply Hin|]].
  assert (expected k s0 = expected k s) as He.
  { destruct Hc as [(_ & Hd & Ht & _) _ _ Ho _ _ _ _ Hn _ _]. injection Hn as N1 N2 N3 _ _ _ _ _. unfold expected, ipv6_v6only, get_option. by rewrite Hd, Ht, Ho, N1, N2, N3. }
  rewrite <- He. destruct (peer_idx (link s0)) as [q|]; [|done]. by destruct (existsb (Nat.eqb q) roots).
Qed.

Lemma child_sockets_ok table_mem roots_mem mem t roots c : child_sockets table_mem roots_mem mem t roots = Some c ->
  sockets_ok c /\ forall i s', Socket.get c i = Some s' -> exists s, Socket.get t i = Some s /\ state s' = state s /\ bind_port (names s') = bind_port (names s).
Proof.
  unfold child_sockets. destruct (try_clone_table_makes slot sm sa sopt table_mem mem t) as (r & -> & Hr). destruct r as [c0|e]; [|done].
  destruct (Hr c0 eq_refl) as [Hok Hf]. pose proof (slot_copies t c0 Hf) as Hcopy.
  destruct (retain_inherited_roots_spec roots_mem roots c0 Hok) as (c' & r' & -> & Hr'). destruct r' as [u|e]; [|done]. intros [= <-].
  destruct Hr' as (Hok' & _ & Hget). split; [done|]. intros i s' Hs'. rewrite Hget in Hs'. specialize (Hcopy i).
  destruct (Socket.get c0 i) as [s0|]; [|done]. destruct Hcopy as (s & Hs & Hc). exists s. split; [done|].
  destruct Hc as [(_ & _ & _ & _ & Hst) _ _ _ _ _ _ _ Hn _ _]. injection Hn as _ _ N3 _ _ _ _ _.
  destruct (existsb (Nat.eqb i) roots); [|done]. injection Hs' as <-. destruct (peer_idx (link s0)) as [q|]; [|done].
  by destruct (existsb (Nat.eqb q) roots).
Qed.

Lemma step_fork_ok ps w parent child p d table_mem roots_mem smem mem roots c B1 B2 : machine_ok (mkMachine ps w) ->
  ps !! parent = Some p -> ps !! child = None -> List.NoDup roots ->
  child_sockets table_mem roots_mem smem (proc_sockets p) roots = Some c ->
  prepare_sockets so mem parent child (map Z.of_nat roots) (port_tables w) = Some (B1, Ok tt) ->
  publish_sockets parent child (map Z.of_nat roots) B1 = Some B2 ->
  machine_ok (mkMachine (<[child := new_process child d c]> ps) (with_tables B2 w)).
Proof.
  intros [M1 M2 M3] Hp Hch Hnd Hc Hprep Hpub. cbn [procs world] in *. pose proof (M2 _ _ Hp) as [P1 P2 P3 P4].
  destruct (prepare_sockets_spec so mem parent child (map Z.of_nat roots) (port_tables w) M1) as (B1' & r & E & Hok1 & Hg & _).
  rewrite Hprep in E. injection E as <- <-. assert (parent <> child) as Hne by (intros ->; congruence).
  assert (forall k i, unheld B1 k (mkOwner child i)) as Hun.
  { intros k i a port Hh. apply (held_regrown _ _ _ _ _ _ Hg) in Hh. apply M3 in Hh. by apply reported_none in Hh. }
  destruct (publish_sockets_held parent child (map Z.of_nat roots) B1 B2 Hok1 Hne) as [Hok2 Hh]; [|intros i _; by apply unheld_unowned|done|].
  { apply Finite.Injective_map_NoDup; [|done]. intros x y. apply Nat2Z.inj. }
  destruct (child_sockets_ok _ _ _ _ _ _ Hc) as [Hcok Hcs]. split; cbn [procs world with_tables port_tables]; [done| |].
  - apply procs_insert; [done|]. split; cbn [new_process proc_pid proc_sockets next_ephemeral_port]; [done|done|unfold first_ephemeral, u16_max; lia|].
    intros i s' Hs' Hst. destruct (Hcs i s' Hs') as (s & Hs & E1 & ->). apply (P4 i s Hs). congruence.
  - intros k o a port. rewrite Hh, (held_regrown _ _ _ _ _ _ Hg), M3, reported_insert. cbn [new_process proc_sockets].
    setoid_rewrite (held_regrown _ _ _ _ _ _ Hg). setoid_rewrite M3. split.
    + intros [Hr|(i & (n & <- & Hn)%in_map_iff & -> & Hr)].
      * right. split; [|done]. intros Ho. by apply reported_none in Hr; [|congruence].
      * left. split; [done|]. exists n. split; [done|]. rewrite (child_report _ _ _ _ _ _ k n Hc), decide_True by (by apply list_elem_of_In).
        apply (reported_in ps p) in Hr as (j & Hj & Hr); [|done]. simpl in Hj. by apply Nat2Z.inj in Hj as <-.
    + intros [[Ho (i & Hi & Hr)]|[_ Hr]]; [|by left]. right. rewrite (child_report _ _ _ _ _ _ k i Hc) in Hr. case_decide as Hin; [|done].
      exists (Z.of_nat i). split; [by apply in_map, list_elem_of_In|]. split; [destruct o; simpl in *; by subst|].
      apply (reported_in ps p); [done|]. by exists i.
Qed.

Lemma port_step_ok x x' : machine_ok (fst x) -> machine_step x x' -> machine_ok (fst x').
Proof.
  intros Hok Hstep. pose proof Hok as [M1 M2 M3]. destruct Hstep as [ps w O pid d Hn|ps w O pid p new_mem mem d t protocol s table r Hp Hs Ha|
    ps w O pid p idx s mem addr p' w' r Hp Hs Hd Hb|ps w O pid p idx p' w' Hp Hc|ps w O parent child p d table_mem roots_mem smem mem roots c B1 B2 Hp Hch Hnd Hc Hprep Hpub|
    ps w O parent child mem roots B1 e Hprep|ps w O pid]; cbn [fst procs world] in *.
  - split; cbn [procs world]; [done| |].
    + apply procs_insert; [done|]. split; cbn [new_process proc_pid proc_sockets next_ephemeral_port]; [done|done|unfold first_ephemeral, u16_max; lia|done].
    + intros k o a port. rewrite M3, reported_insert. cbn [new_process proc_sockets]. destruct (decide (owner_pid o = pid)) as [E|E]; [|tauto].
      split; [intros Hr; by apply reported_none in Hr; [|congruence]|]. by intros [[_ (i & _ & Hr)]|[? _]].
  - by eapply step_socket_ok.
  - by eapply step_bind_ok.
  - by eapply step_close_ok.
  - by eapply step_fork_ok.
  - destruct (prepare_sockets_spec so mem parent child roots (port_tables w) M1) as (B1' & r & E & Hok1 & Hg & _). rewrite Hprep in E. injection E as <- <-.
    split; cbn [procs world with_tables port_tables]; [done..|]. intros k o a port. by rewrite (held_regrown _ _ _ _ _ _ Hg), M3.
  - split; cbn [procs world with_tables port_tables].
    + destruct M1. split; cbn; by apply drop_owners_ok.
    + intros pid' p' [_ Hp]%lookup_delete_Some. auto.
    + intros k o a port. assert (held (cleanup_ports pid (port_tables w)) k o a port <-> owner_pid o <> pid /\ held (port_tables w) k o a port) as ->.
      { destruct k; cbn [held cleanup_ports udp_bindings udp6_bindings tcp_bindings tcp6_bindings]; by apply holds_cleanup. }
      rewrite M3. unfold reported. split.
      * intros [Hne (p & i & Hp & Hr)]. exists p, i. by rewrite lookup_delete_ne.
      * intros (p & i & [Hne Hp]%lookup_delete_Some & Hr). split; [done|]. by exists p, i.
Qed.

(** ** Copies of one socket *)

Definition opened (ps : gmap Z (NetProc F)) (pid : Z) (i : nat) : Prop := exists p s, ps !! pid = Some p /\ Socket.get (proc_sockets p) i = Some s.
Definition origin_of O (o : BindingOwner) : nat := origin O (owner_pid o) (Z.to_nat (owner_sock_idx o)).

(** The open slots of a process hold different sockets, and stream sockets
    that report a port with conflicting addresses are one. *)
Record origins_ok (ps : gmap Z (NetProc F)) O : Prop := {
  oo_born : forall pid i, opened ps pid i -> (origin O pid i < births O)%nat;
  oo_distinct : forall pid i j, opened ps pid i -> opened ps pid j -> origin O pid i = origin O pid j -> i = j;
  oo_shared : forall k o1 o2 a1 a2 port, reported ps k o1 a1 port -> reported ps k o2 a2 port -> stream_clash k a1 a2 = true ->
    origin_of O o1 = origin_of O o2;
}.

Lemma reported_opened ps k o a port : reported ps k o a port -> opened ps (owner_pid o) (Z.to_nat (owner_sock_idx o)).
Proof.
  intros (p & i & Hp & Hi & Hr). unfold report in Hr. rewrite Hi, Nat2Z.id. destruct (Socket.get (proc_sockets p) i) as [s|] eqn:E; [|done]. by exists p, s.
Qed.

Lemma opened_insert ps pid p' pid' i : opened (<[pid := p']> ps) pid' i <->
  pid' = pid /\ is_Some (Socket.get (proc_sockets p') i) \/ pid' <> pid /\ opened ps pid' i.
Proof.
  unfold opened. destruct (decide (pid' = pid)) as [->|Hne].
  - rewrite lookup_insert_eq. split; [intros (p & s & [= <-] & Hs); left; by eauto|]. intros [[_ [s Hs]]|[? _]]; [by exists p', s|done].
  - rewrite lookup_insert_ne by done. naive_solver.
Qed.

Lemma opened_in ps pid p i : ps !! pid = Some p -> opened ps pid i <-> is_Some (Socket.get (proc_sockets p) i).
Proof. intros Hp. unfold opened. split; [intros (q & s & Hq & Hs); simplify_eq; eauto|]. intros [s Hs]. eauto. Qed.

(** Every slot of the new state stands for the same slot of some process of
    the old one, and every report for a report of it. *)
Lemma origins_from (f : Z -> Z) ps ps' O O' : births O = births O' ->
  (forall pid i, opened ps' pid i -> opened ps (f pid) i /\ origin O' pid i = origin O (f pid) i) ->
  (forall k o a port, reported ps' k o a port -> reported ps k (mkOwner (f (owner_pid o)) (owner_sock_idx o)) a port) ->
  origins_ok ps O -> origins_ok ps' O'.
Proof.
  intros Hb Hslot Hrep [H1 H2 H3]. split.
  - intros pid i [Ho ->]%Hslot. rewrite <- Hb. auto.
  - intros pid i j [Hi Ei]%Hslot [Hj Ej]%Hslot E. apply (H2 (f pid)); congruence.
  - intros k o1 o2 a1 a2 port R1 R2 Hc. pose proof (H3 k _ _ a1 a2 port (Hrep _ _ _ _ R1) (Hrep _ _ _ _ R2) Hc) as E. unfold origin_of in *. cbn [owner_pid owner_sock_idx] in E.
    destruct (Hslot _ _ (reported_opened _ _ _ _ _ R1)) as [_ ->]. by destruct (Hslot _ _ (reported_opened _ _ _ _ _ R2)) as [_ ->].
Qed.

Lemma origins_sub ps ps' O : (forall pid i, opened ps' pid i -> opened ps pid i) ->
  (forall k o a port, reported ps' k o a port -> reported ps k o a port) -> origins_ok ps O -> origins_ok ps' O.
Proof. intros Hs Hr. apply (origins_from (fun pid => pid)); [done|by auto|]. intros k [op oi] a port. apply Hr. Qed.
Lemma origins_process ps w O pid d : machine_ok (mkMachine ps w) -> ps !! pid = None -> origins_ok ps O ->
  origins_ok (<[pid := new_process pid d new_sockets]> ps) O.
Proof.
  intros _ Hn. apply origins_sub.
  - intros pid' i [[_ [s Hs]]|[_ ?]]%opened_insert; [done|done].
  - intros k o a port [[_ (i & _ & Hr)]|[_ ?]]%reported_insert; [done|done].
Qed.

Lemma origins_socket ps w O pid p new_mem mem d t protocol s table r : machine_ok (mkMachine ps w) -> ps !! pid = Some p ->
  try_new new_mem d t protocol = Some (Ok s) -> Socket.try_alloc slot mem s (proc_sockets p) = Some (table, r) ->
  origins_ok ps O -> origins_ok (<[pid := with_sockets table p]> ps) (born pid r O).
Proof.
  intros [M1 M2 M3] Hp Hs Ha Ho. cbn [procs world] in *. pose proof (M2 _ _ Hp) as [P1 P2 P3 P4].
  assert (bind_port (names s) = 0) as Hport by (unfold try_new in Hs; destruct (copy_from _ _ _) as [[]|]; [injection Hs as <-; done|done|done]).
  destruct (socket_alloc_spec slot mem s (proc_sockets p) P2) as (table' & r' & E & Hr). rewrite Ha in E. injection E as <- <-. destruct r as [i|e]; cbn [born].
  2: { destruct Hr as [-> _]. replace (with_sockets (proc_sockets p) p) with p by by destruct p. by rewrite insert_id. }
  destruct Hr as ([Hok Hset] & Hfree & _). destruct Ho as [H1 H2 H3].
  assert (~ opened ps pid i) as Hnew by (rewrite (opened_in ps pid p) by done; rewrite Hfree; by intros [? ?]).
  assert (forall pid' j, opened (<[pid := with_sockets table p]> ps) pid' j -> pid' = pid /\ j = i \/ ~ (pid' = pid /\ j = i) /\ opened ps pid' j) as Hcase.
  { intros pid' j [[-> Hj]|[Hne Hj]]%opened_insert; [|right; split; [by intros [? _]|done]]. cbn [with_sockets proc_sockets] in Hj. rewrite Hset in Hj.
    case_decide as Ed; [by left|]. right. split; [by intros [_ ?]|]. by rewrite (opened_in ps pid p). }
  split; cbn [origin births].
  - intros pid' j [[-> ->]|[Hne Hj]]%Hcase; [rewrite decide_True by done; lia|]. rewrite decide_False by done. specialize (H1 _ _ Hj). lia.
  - intros pid' j1 j2 [[-> ->]|[Hn1 Hj1]]%Hcase [[E2 ->]|[Hn2 Hj2]]%Hcase; [done|..].
    + rewrite decide_True, decide_False by done. specialize (H1 _ _ Hj2). lia.
    + subst. rewrite decide_False, decide_True by done. specialize (H1 _ _ Hj1). lia.
    + rewrite !decide_False by done. by apply H2.
  - assert (forall k o a port, reported (<[pid := with_sockets table p]> ps) k o a port -> reported ps k o a port
      /\ origin_of (mkOrigins (fun pid' i' => if decide (pid' = pid /\ i' = i) then births O else origin O pid' i') (S (births O))) o = origin_of O o) as Hold.
    { intros k o a port Hr. assert (reported ps k o a port) as Hr'.
      { revert Hr. apply (reported_same ps pid p (with_sockets table p) k o a port); [done|]. intros j. cbn [with_sockets proc_sockets]. rewrite (report_slot _ _ _ _ k j (conj Hok Hset)).
        case_decide; [|done]. subst. unfold report. by rewrite Hfree, expected_unbound. }
      split; [done|]. unfold origin_of. cbn [origin]. rewrite decide_False; [done|]. intros [E1 E2]. apply Hnew. rewrite <- E1, <- E2. exact (reported_opened _ _ _ _ _ Hr'). }
    intros k o1 o2 a1 a2 port [R1 ->]%Hold [R2 ->]%Hold Hc. exact (H3 k o1 o2 a1 a2 port R1 R2 Hc).
Qed.

Lemma origins_bind ps w O pid p idx s mem addr p' w' r : machine_ok (mkMachine ps w) -> machine_ok (mkMachine (<[pid := p']> ps) w') -> ps !! pid = Some p ->
  Socket.get (proc_sockets p) idx = Some s -> domain s <> Unix ->
  bind_socket so su su6 sb sb6 host_udp_bind bind_unix mem idx addr (p, w) = Some ((p', w'), r) ->
  origins_ok ps O -> origins_ok (<[pid := p']> ps) O.
Proof.
  intros [M1 M2 M3] [_ _ M3'] Hp Hs Hd Hb Ho. cbn [procs world] in *. pose proof (M2 _ _ Hp) as [P1 P2 P3 P4].
  destruct (decide (state s = Unbound)) as [Hst|Hst].
  2: { unfold bind_socket, op_bind, socket_at in Hb. cbn [fst] in Hb. rewrite Hs in Hb. cbn [ok_or] in Hb. rewrite bool_decide_false in Hb by done.
       injection Hb as <- <- _. rewrite (insert_id ps pid p Hp). exact Ho. }
  assert (forall k, unheld (port_tables w) k (mkOwner pid (Z.of_nat idx))) as Hfree.
  { intros k a port Hh. apply M3, (reported_in ps p) in Hh as (i & Hi & Hr); [|done]. simpl in Hi. apply Nat2Z.inj in Hi as <-.
    unfold report in Hr. rewrite Hs, expected_unbound in Hr; [done|]. by apply (P4 idx). }
  destruct (bind_socket_binds so su su6 sb sb6 host_udp_bind bind_unix pid mem idx addr s Hd Hst (p, w)) as ([p1 w1] & r1 & E & T1 & _ & Hr).
  { done. }
  { split; cbn [fst snd]; try done. unfold owner_of. simpl. by rewrite P1. }
  rewrite Hb in E. injection E as <- <- <-. unfold tables_of, owner_of in *. cbn [fst snd] in *. destruct r as [u|e].
  - destruct Hr as (n & [_ Hget] & Hn & Hheld & Hplace). destruct Ho as [H1 H2 H3].
    assert (forall pid' i, opened (<[pid := p']> ps) pid' i -> opened ps pid' i) as Hsub.
    { intros pid' i [[-> Hi]|[_ ?]]%opened_insert; [|done]. rewrite (opened_in ps pid p) by done. rewrite Hget in Hi. case_decide as Ei; [|done]. rewrite Ei, Hs. by eexists. }
    split; [by auto|eauto|]. intros k o1 o2 a1 a2 port R1 R2 Hc. apply M3', Hheld in R1, R2. destruct R1 as [[-> E1]|R1], R2 as [[-> E2]|R2].
    + done.
    + specialize (Hplace k a1 port E1 o2 a2 R2). by rewrite stream_clash_sym, Hc in Hplace.
    + specialize (Hplace k a2 port E2 o1 a1 R1). by rewrite Hc in Hplace.
    + apply (H3 k o1 o2 a1 a2 port); [by apply M3..|done].
  - destruct Hr as [Hsame Hheld]. cbn [fst snd] in Hsame. revert Ho. apply origins_sub.
    + intros pid' i [[-> Hi]|[_ ?]]%opened_insert; [|done]. rewrite (opened_in ps pid p) by done. by rewrite <- Hsame.
    + intros k o a port Hr. by apply M3, Hheld, M3'.
Qed.

Lemma close_sockets idx p w p' w' : sockets_ok (proc_sockets p) -> close_socket idx (p, w) = Some (p', w') ->
  forall j, Socket.get (proc_sockets p') j = if decide (j = idx) then None else forget_peer idx (Socket.get (proc_sockets p) j).
Proof.
  intros P2 Hc. destruct (forget_peers (proc_sockets p) idx P2) as [_ Hget]. unfold close_socket in Hc.
  destruct (match Socket.get (proc_sockets p) idx with None => Some w | Some s => _ end) as [w1|]; [|done]. by injection Hc as <- _.
Qed.

Lemma origins_close ps w O pid p idx p' w' : machine_ok (mkMachine ps w) -> ps !! pid = Some p -> close_socket idx (p, w) = Some (p', w') ->
  origins_ok ps O -> origins_ok (<[pid := p']> ps) O.
Proof.
  intros [M1 M2 M3] Hp Hc. cbn [procs world] in *. pose proof (M2 _ _ Hp) as [P1 P2 P3 P4]. pose proof (close_sockets idx p w p' w' P2 Hc) as Hget. apply origins_sub.
  - intros pid' i [[-> Hi]|[_ ?]]%opened_insert; [|done]. rewrite (opened_in ps pid p) by done. rewrite Hget in Hi. case_decide; [by destruct Hi|].
    destruct (Socket.get (proc_sockets p) i); [done|by destruct Hi].
  - intros k o a port [[<- (i & Hi & Hr)]|[_ ?]]%reported_insert; [|done]. apply (reported_in ps p); [done|]. exists i. split; [done|]. revert Hr. unfold report. rewrite Hget.
    case_decide; [done|]. destruct (Socket.get (proc_sockets p) i) as [s|]; [|done]. simpl. by case_bool_decide.
Qed.

Lemma origins_fork ps w O parent child p d table_mem roots_mem smem roots c : machine_ok (mkMachine ps w) -> ps !! parent = Some p -> ps !! child = None ->
  child_sockets table_mem roots_mem smem (proc_sockets p) roots = Some c -> origins_ok ps O ->
  origins_ok (<[child := new_process child d c]> ps) (copied parent child O).
Proof.
  intros _ Hp Hch Hc. apply (origins_from (fun pid => if decide (pid = child) then parent else pid)); [done|..].
  - intros pid i. cbn [copied origin]. intros [[-> Hi]|[Hne Hi]]%opened_insert; [|by rewrite !decide_False]. rewrite !decide_True by done. split; [|done].
    destruct Hi as [s' Hs']. destruct (child_sockets_ok _ _ _ _ _ _ Hc) as [_ Hcs]. destruct (Hcs i s' Hs') as (s & Hs & _). by exists p, s.
  - intros k [op oi] a port. cbn [owner_pid owner_sock_idx]. intros [[Ho (i & Hi & Hr)]|[Hne Hr]]%reported_insert; cbn [owner_pid owner_sock_idx] in *; [|by rewrite decide_False].
    rewrite decide_True by done. apply (reported_in ps p); [done|]. exists i. split; [done|]. cbn [new_process proc_sockets] in Hr.
    rewrite (child_report _ _ _ _ _ _ k i Hc) in Hr. by case_decide.
Qed.

Lemma origins_step x x' : machine_ok (fst x) -> origins_ok (procs (fst x)) (snd x) -> machine_step x x' -> origins_ok (procs (fst x')) (snd x').
Proof.
  intros Hok Ho Hstep. pose proof (port_step_ok x x' Hok Hstep) as Hok'. destruct Hstep; cbn [fst snd procs] in *.
  - by eapply origins_process.
  - by eapply origins_socket.
  - by eapply origins_bind.
  - by eapply origins_close.
  - by eapply origins_fork.
  - done.
  - revert Ho. apply origins_sub; unfold opened, reported.
    + intros pid' i (p & s & [_ Hp]%lookup_delete_Some & Hs). eauto.
    + intros k o a port (p & i & [_ Hp]%lookup_delete_Some & Hr). eauto.
Qed.

(** No process and no socket yet. *)
Definition started w : Machine * Origins := (mkMachine ∅ w, mkOrigins (fun _ _ => 0%nat) 0).

Lemma machine_run x x' : rtc machine_step x x' -> machine_ok (fst x) -> origins_ok (procs (fst x)) (snd x) ->
  machine_ok (fst x') /\ origins_ok (procs (fst x')) (snd x').
Proof. induction 1 as [x|x y x' Hs _ IH]; intros H0 H1; [done|]. apply IH; [by eapply port_step_ok|by eapply origins_step]. Qed.

Lemma machine_reachable w x : port_tables w = no_bindings -> rtc machine_step (started w) x -> machine_ok (fst x) /\ origins_ok (procs (fst x)) (snd x).
Proof.
  intros Hw Hrun. apply (machine_run _ _ Hrun).
  - split; cbn [started fst procs world]; rewrite ?Hw; [apply no_bindings_ok|by intros pid p|]. intros k o a port. split; [|by intros (p & i & Hp & _)].
    destruct k; intros (b & [] & _).
  - split; [by intros pid i (p & s & Hp & _)|by intros pid i j (p & s & Hp & _)|by intros k o1 o2 a1 a2 port (p & i & Hp & _)].
Qed.

Lemma stream_sharing B k o1 o2 a1 a2 port : tables_ok B -> held B k o1 a1 port -> held B k o2 a2 port -> stream_clash k a1 a2 = true ->
  a1 = a2 /\ owner_sock_idx o1 = owner_sock_idx o2.
Proof.
  assert (forall T (h : HasBindingOwners T) (P : PortTable T) (t : IoBuffer T) (addr : T -> list Z) (prt : T -> Z) (conflicts : list Z -> list Z -> bool),
    (forall a b, prt a = prt b -> conflicts (addr a) (addr b) = true -> clash a b = true) -> table_ok t ->
    holds o1 (fun b => addr b = a1 /\ prt b = port) t -> holds o2 (fun b => addr b = a2 /\ prt b = port) t -> conflicts a1 a2 = true ->
    a1 = a2 /\ owner_sock_idx o1 = owner_sock_idx o2) as Hshare.
  { intros T h P t addr prt conflicts Hcl Hok (b1 & H1 & O1 & <- & P1) (b2 & H2 & O2 & <- & P2) Hc.
    apply list_elem_of_In, list_elem_of_lookup_1 in H1 as (i & Hi). apply list_elem_of_In, list_elem_of_lookup_1 in H2 as (j & Hj).
    destruct (decide (i = j)) as [<-|Hne].
    - rewrite Hi in Hj. injection Hj as <-. split; [done|]. eapply (tok_index _ Hok b1); [|done|done]. by eapply list_elem_of_In, list_elem_of_lookup_2.
    - pose proof (table_pair t i j b1 b2 Hok Hne Hi Hj) as Hcl'. by rewrite Hcl in Hcl' by congruence. }
  intros [_ _ K3 K4]. destruct k; [done|done|..]; simpl; eapply Hshare; try done; intros a b E Hc; simpl; by rewrite E, Z.eqb_refl, Hc.
Qed.

(** C8. The port tables are exact. However processes create, bind, inherit and
    close Internet sockets and exit, a table lists a socket under an address
    and a port exactly when that socket is open and reports them: no port is
    held by a socket that is gone, and none is reported without being held.
    Two open stream sockets, IPv4 or IPv6, that report one port with
    conflicting addresses are copies that fork made of one socket: they have
    one address, the same slot in their processes and the same creation as
    their origin, while the open slots of one process have different origins.
    A bind returns without a panic. *)
Theorem bound_ports_exact w m O : port_tables w = no_bindings -> rtc machine_step (started w) (m, O) ->
  (forall k o a port, held (port_tables (world m)) k o a port <-> reported (procs m) k o a port)
  /\ (forall k o1 o2 a1 a2 port, reported (procs m) k o1 a1 port -> reported (procs m) k o2 a2 port -> stream_clash k a1 a2 = true ->
        a1 = a2 /\ owner_sock_idx o1 = owner_sock_idx o2 /\ origin_of O o1 = origin_of O o2)
  /\ (forall pid i j, opened (procs m) pid i -> opened (procs m) pid j -> origin O pid i = origin O pid j -> i = j)
  /\ (forall pid p idx s mem addr, procs m !! pid = Some p -> Socket.get (proc_sockets p) idx = Some s -> domain s <> Unix ->
        is_Some (bind_socket so su su6 sb sb6 host_udp_bind bind_unix mem idx addr (p, world m))).
Proof.
  intros Hw Hrun. pose proof (machine_reachable w (m, O) Hw Hrun) as [[M1 M2 M3] [O1 O2 O3]]. cbn [fst snd] in *. split_and!; [done| |done|].
  - intros k o1 o2 a1 a2 port R1 R2 Hc. pose proof (O3 k o1 o2 a1 a2 port R1 R2 Hc) as E. apply M3 in R1, R2.
    destruct (stream_sharing _ _ _ _ _ _ _ M1 R1 R2 Hc). done.
  - intros pid p idx s mem addr Hp Hs Hd. pose proof (M2 _ _ Hp) as [P1 P2 P3 P4]. destruct (decide (state s = Unbound)) as [Hst|Hst].
    + destruct (bind_socket_binds so su su6 sb sb6 host_udp_bind bind_unix pid mem idx addr s Hd Hst (p, world m)) as (st' & r & -> & _); [done| |by eexists].
      split; cbn [fst snd]; try done. intros k a port Hh. unfold tables_of, owner_of in Hh. cbn [fst snd] in Hh. rewrite P1 in Hh.
      apply M3, (reported_in (procs m) p) in Hh as (i & Hi & Hr); [|done]. simpl in Hi. apply Nat2Z.inj in Hi as <-.
      unfold report in Hr. rewrite Hs, expected_unbound in Hr; [done|]. by apply (P4 idx).
    + unfold bind_socket, op_bind, socket_at. cbn [fst]. rewrite Hs. cbn [ok_or]. rewrite bool_decide_false by done. by eexists.
Qed.
End Machine.

(** ** Addresses *)

Lemma copy_prefix_whole sa buf : (length sa <= length buf)%nat -> copy_prefix sa buf = sa ++ drop (length sa) buf.
Proof. intros H. unfold copy_prefix. rewrite Nat.min_r by done. by rewrite firstn_all. Qed.

(** An address that the kernel writes for a program and the program passes
    back is read as the same address and port. *)
Theorem sockaddr_roundtrip buf addr addr6 port : length addr = 4%nat -> length addr6 = 16%nat -> 0 <= port <= u16_max ->
  ((16 <= length buf)%nat -> parse_sockaddr_in (fst (write_sockaddr_in buf addr port)) = Ok (addr, port))
  /\ ((28 <= length buf)%nat -> parse_sockaddr_in6 (fst (write_sockaddr_in6 buf addr6 port)) = Ok (addr6, port)).
Proof.
  intros H4 H6 Hp. assert (256 * (port / 256) + port mod 256 = port) as Hport by (pose proof (Z.div_mod port 256); lia). split; intros Hb.
  - unfold write_sockaddr_in. cbn [fst]. rewrite copy_prefix_whole by (rewrite !length_app, length_replicate; simpl; lia).
    do 5 (destruct addr as [|? addr]; try discriminate H4). unfold parse_sockaddr_in, sockaddr_family, byte_at. cbn [app replicate length drop take lookup list_lookup default].
    rewrite (proj2 (Z.ltb_ge _ _)) by (simpl; lia). rewrite (proj2 (Z.ltb_ge _ _)) by (simpl; lia). simpl. by rewrite Hport.
  - unfold write_sockaddr_in6. cbn [fst]. rewrite copy_prefix_whole by (rewrite !length_app, length_replicate; simpl; lia).
    do 17 (destruct addr6 as [|? addr6]; try discriminate H6). unfold parse_sockaddr_in6, sockaddr_family, byte_at.
    rewrite (proj2 (Z.ltb_ge _ _)) by (simpl; lia). rewrite (proj2 (Z.ltb_ge _ _)) by (simpl; lia). simpl. by rewrite Hport.
Qed.

Lemma sockaddr_roundtrip_witness : parse_sockaddr_in (fst (write_sockaddr_in (replicate 16 0) [127; 0; 0; 1] 8080)) = Ok ([127; 0; 0; 1], 8080).
Proof.
  destruct (sockaddr_roundtrip (replicate 16 0) [127; 0; 0; 1] any6 8080) as [H _]; [reflexivity|reflexivity|unfold u16_max; lia|].
  apply H. simpl. lia.
Defined.

(** ** Witnesses *)

Definition no_world : NetWorld unit unit := mkNetWorld no_bindings initial_host_net no_backlogs (mkTab new_table []) [] [].
Definition no_descriptors : Proc := mkProc Fd.new (mkOfdTable IoBuffer.new).
Definition always : Z -> list Z -> Z -> result unit := fun _ _ _ => Ok tt.
Definition no_unix : nat -> list Z -> op (NetProc unit * NetWorld unit unit) unit := fun _ _ => op_err EINVAL.
Definition bind_mems : BindMemories := mkBindMemories bind_mem bind_mem.
Definition stream_socket : SocketInfo unit :=
  match try_new witness_mem Inet SockStream 0 with Some (Ok s) => s | _ => mkSocket None Inet SockStream 0 Unbound (mkLink None None None false false None true)
    (mkOptions IoBuffer.new 0 0 None IoBuffer.new 0 0 IoBuffer.new) (mkNames zero4 zero6 0 zero4 None zero6 0 None None) (mkListener None None) nothing_queued end.
Definition one_socket : SocketTable unit :=
  match Socket.try_alloc 400 witness_mem stream_socket new_sockets with Some (t, _) => t | None => new_sockets end.
(** 127.0.0.1:80 and 0.0.0.0:0. *)
Definition addr_80 : list Z := [2; 0; 0; 80; 127; 0; 0; 1].
Definition addr_0 : list Z := [2; 0; 0; 0; 0; 0; 0; 0].
Definition bind_at (idx : nat) (addr : list Z) : op (NetProc unit * NetWorld unit unit) unit := bind_socket 8 40 56 40 56 always no_unix bind_mems idx addr.
Definition wp0 (pid : Z) : NetProc unit := new_process pid no_descriptors new_sockets.
Definition wp1 (pid : Z) : NetProc unit := with_sockets one_socket (wp0 pid).
Definition bound_state (addr : list Z) (pid : Z) (w : NetWorld unit unit) : NetProc unit * NetWorld unit unit :=
  match bind_at 0 addr (wp1 pid, w) with Some (st, _) => st | None => (wp1 pid, w) end.

(** Process 1 binds a socket to 127.0.0.1:80 and forks process 2, which gets a
    copy. *)
Definition bound_80 : NetProc unit * NetWorld unit unit := bound_state addr_80 1 no_world.
Definition clone_mem : nat -> SocketMemory := 
  fun _ => mkSocketMemory witness_mem (fun _ => mkMembershipMemory witness_mem witness_mem) witness_mem witness_mem witness_mem witness_mem.
Definition copy_80 : SocketTable unit :=
  match child_sockets 400 40 4 12 witness_mem witness_mem clone_mem (proc_sockets (fst bound_80)) [0%nat] with Some c => c | None => new_sockets end.
Definition prepared_80 : BindingTables :=
  match prepare_sockets 8 (fun _ => inherit_mem) 1 2 [0] (port_tables (snd bound_80)) with Some (B, _) => B | None => no_bindings end.
Definition shared_80 : BindingTables := match publish_sockets 1 2 [0] prepared_80 with Some B => B | None => no_bindings end.
Definition forked_80 : Machine :=
  mkMachine (<[2 := new_process 2 no_descriptors copy_80]> (<[1 := fst bound_80]> (<[1 := wp1 1]> (<[1 := wp0 1]> ∅)))) (with_tables shared_80 (snd bound_80)).
Definition origins_80 : Origins := copied 1 2 (born 1 (Ok 0%nat) (mkOrigins (fun _ _ => 0%nat) 0)).

Lemma forked_80_reachable : rtc (machine_step 8 40 56 40 56 400 40 4 12 always no_unix) (started no_world) (forked_80, origins_80).
Proof.
  eapply rtc_l; [apply (step_process 8 40 56 40 56 400 40 4 12 always no_unix ∅ no_world _ 1 no_descriptors); reflexivity|].
  eapply rtc_l; [apply (step_socket 8 40 56 40 56 400 40 4 12 always no_unix (<[1 := wp0 1]> ∅) no_world _ 1 (wp0 1) witness_mem witness_mem Inet SockStream 0
    stream_socket one_socket (Ok 0%nat)); [reflexivity|vm_compute; reflexivity|vm_compute; reflexivity]|].
  eapply rtc_l; [apply (step_bind 8 40 56 40 56 400 40 4 12 always no_unix (<[1 := wp1 1]> (<[1 := wp0 1]> ∅)) no_world _ 1 (wp1 1) 0 stream_socket
    bind_mems addr_80 (fst bound_80) (snd bound_80) (Ok tt)); [reflexivity|vm_compute; reflexivity|discriminate|vm_compute; reflexivity]|].
  apply rtc_once. apply (step_fork 8 40 56 40 56 400 40 4 12 always no_unix (<[1 := fst bound_80]> (<[1 := wp1 1]> (<[1 := wp0 1]> ∅))) (snd bound_80) _ 1 2 (fst bound_80)
    no_descriptors witness_mem witness_mem clone_mem (fun _ => inherit_mem) [0%nat] copy_80 prepared_80 shared_80);
    [reflexivity|reflexivity|repeat constructor; by intros []|vm_compute; reflexivity|vm_compute; reflexivity|vm_compute; reflexivity].
Qed.

Lemma bound_ports_exact_witness :
  held (port_tables (world forked_80)) Tcp (mkOwner 2 0) [127; 0; 0; 1] 80
  /\ origin_of origins_80 (mkOwner 1 0) = origin_of origins_80 (mkOwner 2 0).
Proof.
  destruct (bound_ports_exact 8 40 56 40 56 400 40 4 12 always no_unix no_world forked_80 origins_80 eq_refl forked_80_reachable) as (H & Hshare & _).
  assert (reported (procs forked_80) Tcp (mkOwner 1 0) [127; 0; 0; 1] 80) as R1.
  { exists (fst bound_80), 0%nat. split; [reflexivity|]. split; [reflexivity|]. vm_compute. reflexivity. }
  assert (reported (procs forked_80) Tcp (mkOwner 2 0) [127; 0; 0; 1] 80) as R2.
  { exists (new_process 2 no_descriptors copy_80), 0%nat. split; [reflexivity|]. split; [reflexivity|]. vm_compute. reflexivity. }
  split; [by apply H|]. exact (proj2 (proj2 (Hshare Tcp _ _ _ _ 80 R1 R2 ltac:(vm_compute; reflexivity)))).
Defined.

(** Two processes bind IPv4 stream sockets to port 0. Both take their first
    ephemeral number, and the second is refused although the next port is
    free; an IPv6 or UDP socket would have searched on. *)
Example port_zero_is_refused :
  let w := snd (bound_state addr_0 1 no_world) in
  (exists st, bind_at 0 addr_0 (wp1 2, w) = Some (st, Err EADDRINUSE))
  /\ search_ephemeral_port (fun p => tcp_can_bind 2 0 any4 p (tcp_bindings (port_tables w))) first_ephemeral = Some (49154, Ok 49153).
Proof. cbv zeta. split; [eexists; vm_compute; reflexivity|vm_compute; reflexivity]. Qed.
