(* ===== verification/Credentials.v ===== *)
(** * Process credentials (crates/runtime-core/src/credentials.rs)

    Real, effective and saved user and group ids, the supplementary groups and
    the POSIX rules of the [set*id] calls. A method that takes [&mut self]
    returns the credentials beside its result. *)

From S2P Require Import Prelude.

Definition NGROUPS_MAX : nat := 32.
Definition ID_UNCHANGED : Z := u32_max.

(** A fixed array of [NGROUPS_MAX] values and the number in use. *)
Record SupplementaryGroups : Type := mkGroups { group_values : list Z; group_length : nat }.

Definition no_groups : SupplementaryGroups := mkGroups (replicate NGROUPS_MAX 0) 0.

(** [copy_from]: the groups overwrite the front of the array. *)
Definition copy_from (groups : list Z) : result SupplementaryGroups :=
  if bool_decide (NGROUPS_MAX < length groups)%nat then Err EINVAL
  else Ok (mkGroups (groups ++ drop (length groups) (group_values no_groups)) (length groups)).

(** [Deref] to the slice in use. *)
Definition group_slice (g : SupplementaryGroups) : list Z := take (group_length g) (group_values g).

Record Credentials : Type := mkCredentials {
  ruid : Z; euid : Z; suid : Z;
  rgid : Z; egid : Z; sgid : Z;
  supplementary_groups : SupplementaryGroups;
}.

Definition from_ids (uid gid : Z) : Credentials := mkCredentials uid uid uid gid gid gid no_groups.
Definition root : Credentials := from_ids 0 0.

Definition is_member_of_group (c : Credentials) (gid : Z) : bool :=
  (gid =? egid c) || existsb (Z.eqb gid) (group_slice (supplementary_groups c)).

Definition with_uids (c : Credentials) (r e s : Z) : Credentials :=
  mkCredentials r e s (rgid c) (egid c) (sgid c) (supplementary_groups c).
Definition with_gids (c : Credentials) (r e s : Z) : Credentials :=
  mkCredentials (ruid c) (euid c) (suid c) r e s (supplementary_groups c).

(** [if requested != ID_UNCHANGED { requested } else { current }]. *)
Definition keep_or (requested current : Z) : Z :=
  if requested =? ID_UNCHANGED then current else requested.

Definition setuid (c : Credentials) (uid : Z) : Credentials * result unit :=
  if euid c =? 0 then (with_uids c uid uid uid, Ok tt)
  else if (uid =? ruid c) || (uid =? suid c) then (with_uids c (ruid c) uid (suid c), Ok tt)
  else (c, Err EPERM).

Definition seteuid (c : Credentials) (uid : Z) : Credentials * result unit :=
  if (euid c =? 0) || (uid =? ruid c) || (uid =? suid c)
  then (with_uids c (ruid c) uid (suid c), Ok tt)
  else (c, Err EPERM).

Definition setresuid (c : Credentials) (r e s : Z) : Credentials * result unit :=
  if negb (euid c =? 0)
     && existsb (fun requested => negb (requested =? ID_UNCHANGED) && negb (requested =? ruid c)
                   && negb (requested =? euid c) && negb (requested =? suid c)) [r; e; s]
  then (c, Err EPERM)
  else (with_uids c (keep_or r (ruid c)) (keep_or e (euid c)) (keep_or s (suid c)), Ok tt).

Definition setreuid (c : Credentials) (r e : Z) : Credentials * result unit :=
  let real_allowed := (r =? ID_UNCHANGED) || (r =? ruid c) in
  let effective_allowed :=
    (e =? ID_UNCHANGED) || (e =? ruid c) || (e =? euid c) || (e =? suid c) in
  if negb (euid c =? 0) && (negb real_allowed || negb effective_allowed) then (c, Err EPERM)
  else
    let r' := keep_or r (ruid c) in
    let e' := keep_or e (euid c) in
    let s' := if negb (r =? ID_UNCHANGED) || (negb (e =? ID_UNCHANGED) && negb (e' =? r'))
              then e' else suid c in
    (with_uids c r' e' s', Ok tt).

Definition setgid (c : Credentials) (gid : Z) : Credentials * result unit :=
  if euid c =? 0 then (with_gids c gid gid gid, Ok tt)
  else if (gid =? rgid c) || (gid =? sgid c) then (with_gids c (rgid c) gid (sgid c), Ok tt)
  else (c, Err EPERM).

Definition setegid (c : Credentials) (gid : Z) : Credentials * result unit :=
  if (euid c =? 0) || (gid =? rgid c) || (gid =? sgid c)
  then (with_gids c (rgid c) gid (sgid c), Ok tt)
  else (c, Err EPERM).

Definition setresgid (c : Credentials) (r e s : Z) : Credentials * result unit :=
  if negb (euid c =? 0)
     && existsb (fun requested => negb (requested =? ID_UNCHANGED) && negb (requested =? rgid c)
                   && negb (requested =? egid c) && negb (requested =? sgid c)) [r; e; s]
  then (c, Err EPERM)
  else (with_gids c (keep_or r (rgid c)) (keep_or e (egid c)) (keep_or s (sgid c)), Ok tt).

Definition setregid (c : Credentials) (r e : Z) : Credentials * result unit :=
  let real_allowed := (r =? ID_UNCHANGED) || (r =? rgid c) || (r =? sgid c) in
  let effective_allowed :=
    (e =? ID_UNCHANGED) || (e =? rgid c) || (e =? egid c) || (e =? sgid c) in
  if negb (euid c =? 0) && (negb real_allowed || negb effective_allowed) then (c, Err EPERM)
  else
    let r' := keep_or r (rgid c) in
    let e' := keep_or e (egid c) in
    let s' := if negb (r =? ID_UNCHANGED) || (negb (e =? ID_UNCHANGED) && negb (e' =? r'))
              then e' else sgid c in
    (with_gids c r' e' s', Ok tt).

Definition setgroups (c : Credentials) (groups : list Z) : Credentials * result unit :=
  if negb (euid c =? 0) then (c, Err EPERM)
  else if bool_decide (NGROUPS_MAX < length groups)%nat then (c, Err EINVAL)
  else
    let? g := copy_from groups orelse c in
    (mkCredentials (ruid c) (euid c) (suid c) (rgid c) (egid c) (sgid c) g, Ok tt).

(** ** The calls as one step *)

Inductive cred_call : Type :=
  | CSetuid (u : Z) | CSeteuid (u : Z) | CSetresuid (r e s : Z) | CSetreuid (r e : Z)
  | CSetgid (g : Z) | CSetegid (g : Z) | CSetresgid (r e s : Z) | CSetregid (r e : Z)
  | CSetgroups (gs : list Z).

Definition run_call (c : Credentials) (k : cred_call) : Credentials * result unit :=
  match k with
  | CSetuid u => setuid c u
  | CSeteuid u => seteuid c u
  | CSetresuid r e s => setresuid c r e s
  | CSetreuid r e => setreuid c r e
  | CSetgid g => setgid c g
  | CSetegid g => setegid c g
  | CSetresgid r e s => setresgid c r e s
  | CSetregid r e => setregid c r e
  | CSetgroups gs => setgroups c gs
  end.

Definition run_calls (c : Credentials) (ks : list cred_call) : Credentials :=
  fold_left (fun c k => fst (run_call c k)) ks c.

Definition uids (c : Credentials) : list Z := [ruid c; euid c; suid c].
Definition gids (c : Credentials) : list Z := [rgid c; egid c; sgid c].

(** The ids of [c'] are among the ids of [c] and the groups are the same. *)
Record confined (c c' : Credentials) : Prop := {
  conf_uids : forall u, In u (uids c') -> In u (uids c);
  conf_gids : forall g, In g (gids c') -> In g (gids c);
  conf_groups : supplementary_groups c' = supplementary_groups c;
}.

#[global] Instance confined_preorder : PreOrder confined.
Proof.
  split; [by split|]. intros a b c [H1 H2 H3] [H4 H5 H6]. split; [auto|auto|congruence].
Qed.

Lemma with_uids_confined c r e s :
  In r (uids c) -> In e (uids c) -> In s (uids c) -> confined c (with_uids c r e s).
Proof. intros. split; [|done|done]. intros u [<-|[<-|[<-|[]]]]; done. Qed.

Lemma with_gids_confined c r e s :
  In r (gids c) -> In e (gids c) -> In s (gids c) -> confined c (with_gids c r e s).
Proof. intros. split; [done| |done]. intros u [<-|[<-|[<-|[]]]]; done. Qed.

(** Decide the membership side conditions of a branch. *)
Ltac solve_ids :=
  unfold uids, gids, keep_or in *; simpl in *;
  repeat match goal with |- context [if ?b then _ else _] => destruct b eqn:? end;
  repeat match goal with H : _ || _ = true |- _ => apply orb_true_iff in H end;
  to_prop; intuition (try congruence; try lia).

(** The [setres*id] guard of an unprivileged caller. *)
Lemma setres_guard a b c xs : existsb (fun x => negb (x =? ID_UNCHANGED) && negb (x =? a)
    && negb (x =? b) && negb (x =? c)) xs = false ->
  forall x, In x xs -> x = ID_UNCHANGED \/ In x [a; b; c].
Proof.
  intros H x Hx. destruct (decide (x = ID_UNCHANGED)) as [|Hu]; [by left|right].
  apply not_true_iff_false in H. rewrite existsb_exists in H.
  destruct (decide (x = a)); [by left|]. destruct (decide (x = b)); [by right; left|].
  destruct (decide (x = c)); [by do 2 right; left|]. destruct H. exists x. split; [done|].
  rewrite !andb_true_iff, !negb_true_iff, !Z.eqb_neq. done.
Qed.

Lemma keep_or_in x cur l : x = ID_UNCHANGED \/ In x l -> In cur l -> In (keep_or x cur) l.
Proof. unfold keep_or. destruct (Z.eqb_spec x ID_UNCHANGED); intros [|]; done. Qed.

(** An unprivileged call stays within the ids the process already has. *)
Lemma run_call_confined c k : euid c <> 0 -> confined c (fst (run_call c k)).
Proof.
  intros Hne. apply Z.eqb_neq in Hne. destruct k; simpl;
    unfold setuid, seteuid, setresuid, setreuid, setgid, setegid, setresgid, setregid, setgroups;
    rewrite Hne; cbn [negb andb orb].
  - destruct (_ || _) eqn:E; [|reflexivity]. apply with_uids_confined; solve_ids.
  - destruct (_ || _) eqn:E; [|reflexivity]. apply with_uids_confined; solve_ids.
  - destruct (existsb _ _) eqn:E; [reflexivity|]. pose proof (setres_guard _ _ _ _ E) as Hg.
    apply with_uids_confined; (apply keep_or_in; [apply Hg; simpl; auto|simpl; auto]).
  - destruct (_ || _) eqn:E; [reflexivity|]. apply with_uids_confined; solve_ids.
  - destruct (_ || _) eqn:E; [|reflexivity]. apply with_gids_confined; solve_ids.
  - destruct (_ || _) eqn:E; [|reflexivity]. apply with_gids_confined; solve_ids.
  - destruct (existsb _ _) eqn:E; [reflexivity|]. pose proof (setres_guard _ _ _ _ E) as Hg.
    apply with_gids_confined; (apply keep_or_in; [apply Hg; simpl; auto|simpl; auto]).
  - destruct (_ || _) eqn:E; [reflexivity|]. apply with_gids_confined; solve_ids.
  - reflexivity.
Qed.

Lemma run_calls_confined ks c : ~ In 0 (uids c) -> confined c (run_calls c ks).
Proof.
  revert c. induction ks as [|k ks IH]; intros c H; [reflexivity|]. simpl.
  assert (confined c (fst (run_call c k))) as Hc by (apply run_call_confined; unfold uids in H; simpl in H; tauto).
  transitivity (fst (run_call c k)); [done|]. apply IH. intros H0. by apply H, Hc.
Qed.

(** ** Theorems *)

(** C37. No privilege escalation. A process none of whose user ids is 0 keeps,
    through any sequence of [set*id] and [setgroups] calls, only user ids and
    group ids it started with, and the same supplementary groups; in
    particular none of its user ids ever becomes 0. *)
Theorem unprivileged_calls_confined c ks : ~ In 0 (uids c) ->
  confined c (run_calls c ks) /\ ~ In 0 (uids (run_calls c ks)).
Proof.
  intros H. pose proof (run_calls_confined ks c H) as Hc. split; [done|].
  intros H0. by apply H, Hc.
Qed.

Lemma unprivileged_calls_confined_witness :
  confined (mkCredentials 5 7 5 1 1 1 no_groups)
    (run_calls (mkCredentials 5 7 5 1 1 1 no_groups) [CSetreuid 7 5; CSetuid 0; CSetuid 5]).
Proof.
  apply (unprivileged_calls_confined (mkCredentials 5 7 5 1 1 1 no_groups)
    [CSetreuid 7 5; CSetuid 0; CSetuid 5]). simpl. lia.
Defined.

(** Dropping root is permanent. After a privileged [setuid] to a non-zero
    id, no sequence of further calls gives the process any other user id. *)
Theorem setuid_drop_is_permanent c uid ks : euid c = 0 -> uid <> 0 ->
  forall u, In u (uids (run_calls (fst (setuid c uid)) ks)) -> u = uid.
Proof.
  intros H0 Hu u Hin. unfold setuid in Hin. rewrite H0 in Hin. simpl in Hin.
  apply (run_calls_confined ks (with_uids c uid uid uid)) in Hin; simpl in *; intuition lia.
Qed.

Lemma setuid_drop_is_permanent_witness :
  suid (run_calls (fst (setuid root 9)) [CSetuid 0; CSetresuid 0 0 0]) = 9.
Proof.
  apply (setuid_drop_is_permanent root 9 [CSetuid 0; CSetresuid 0 0 0]); [reflexivity|lia|].
  simpl. auto.
Defined.

(** Errors. A refused call changes nothing, and the only errors are EPERM,
    which a process with effective id 0 never gets, and EINVAL from
    [setgroups] with more than [NGROUPS_MAX] groups. *)
Theorem cred_errors_atomic c k e : snd (run_call c k) = Err e ->
  fst (run_call c k) = c
  /\ (e = EPERM /\ euid c <> 0
      \/ e = EINVAL /\ exists gs, k = CSetgroups gs /\ (NGROUPS_MAX < length gs)%nat).
Proof.
  destruct k; simpl;
    unfold setuid, seteuid, setresuid, setreuid, setgid, setegid, setresgid, setregid, setgroups, copy_from;
    destruct (Z.eqb_spec (euid c) 0); cbn [negb andb orb];
    repeat case_bool_decide; repeat case_match; simplify_eq/=; intros; simplify_eq; split; eauto 10.
Qed.

Lemma cred_errors_atomic_witness :
  fst (run_call (from_ids 4 4) (CSetuid 0)) = from_ids 4 4
  /\ (EPERM = EPERM /\ euid (from_ids 4 4) <> 0
      \/ EPERM = EINVAL /\ exists gs, CSetuid 0 = CSetgroups gs /\ (NGROUPS_MAX < length gs)%nat).
Proof. apply (cred_errors_atomic (from_ids 4 4) (CSetuid 0) EPERM). reflexivity. Defined.

(** [setgroups] by a privileged caller installs exactly the groups given:
    membership is the effective group or one of them. *)
Theorem setgroups_membership c gs : euid c = 0 -> (length gs <= NGROUPS_MAX)%nat ->
  snd (setgroups c gs) = Ok tt
  /\ forall g, is_member_of_group (fst (setgroups c gs)) g = true <-> g = egid c \/ In g gs.
Proof.
  intros H0 Hl. unfold setgroups, copy_from. rewrite H0. simpl.
  rewrite !bool_decide_eq_false_2 by lia. split; [done|]. intros g.
  unfold is_member_of_group, group_slice. cbn [fst egid supplementary_groups group_length group_values].
  rewrite take_app_length, orb_true_iff, Z.eqb_eq, existsb_exists.
  split; intros [|H]; auto; right; [destruct H as (x & ? & ?%Z.eqb_eq); by subst|].
  exists g. by rewrite Z.eqb_refl.
Qed.

Lemma setgroups_membership_witness :
  is_member_of_group (fst (setgroups root [20; 30])) 30 = true.
Proof. apply (setgroups_membership root [20; 30]); [reflexivity|vm_compute; lia|]. simpl. auto. Defined.
