(* ===== verification/Path.v ===== *)
(** * Lexical paths (crates/runtime-core/src/path.rs)

    Pathnames as byte strings: making a path absolute without interpreting
    its components, and lexical normalisation. *)

From S2P Require Import Prelude.

Definition slash : Z := 47.   (** [b'/'] *)
Definition dot : Z := 46.     (** [b'.'] *)

(** [slice.split(|&b| b == b'/')]: one more piece than separators. *)
Fixpoint split (path : list Z) : list (list Z) :=
  match path with
  | [] => [[]]
  | b :: rest =>
      if b =? slash then [] :: split rest
      else match split rest with
           | piece :: pieces => (b :: piece) :: pieces
           | [] => [[b]]
           end
  end.

Definition ends_with_slash (path : list Z) : bool := bool_decide (last path = Some slash).

(** [cwd] with a separator at its end. *)
Definition with_separator (cwd : list Z) : list Z :=
  if ends_with_slash cwd then cwd else cwd ++ [slash].

Definition make_absolute (path cwd : list Z) : list Z :=
  match path with
  | [] => []
  | b :: _ => if b =? slash then path else with_separator cwd ++ path
  end.

(** One component of the walk; [pop] of an empty vector is a no-op. The
    vector is kept with its last component first. *)
Definition push_component (components : list (list Z)) (component : list Z) : list (list Z) :=
  if bool_decide (component = []) || bool_decide (component = [dot]) then components
  else if bool_decide (component = [dot; dot]) then tail components
  else component :: components.

Definition join (components : list (list Z)) : list Z :=
  concat (map (fun component => slash :: component) components).

Definition components (path : list Z) : list (list Z) :=
  rev (fold_left push_component (split path) []).

Definition render (components : list (list Z)) : list Z :=
  if bool_decide (components = []) then [slash] else join components.

Definition normalize_path (path : list Z) : list Z := render (components path).

Definition resolve_path (path cwd : list Z) : list Z :=
  match path with
  | b :: _ => if b =? slash then normalize_path path
              else normalize_path (with_separator cwd ++ path)
  | [] => normalize_path (with_separator cwd ++ path)
  end.

(** ** Canonical components *)

(** A component that names an entry: not empty, not [.], not [..], no slash. *)
Definition proper (c : list Z) : Prop :=
  c <> [] /\ c <> [dot] /\ c <> [dot; dot] /\ ~ In slash c.

Lemma split_no_slash path c : In c (split path) -> ~ In slash c.
Proof.
  revert c. induction path as [|b path IH]; simpl; intros c.
  - intros [<-|[]]. auto.
  - destruct (Z.eqb_spec b slash) as [->|Hb].
    + intros [<-|H]; [simpl; tauto|auto].
    + destruct (split path) as [|p ps]; simpl.
      * intros [<-|[]]. simpl. intuition.
      * intros [<-|H]; [|by apply IH; right]. intros [|H]; [done|]. by apply (IH p); [left|].
Qed.

Lemma fold_proper cs acc : (forall c, In c cs -> ~ In slash c) ->
  (forall c, In c acc -> proper c) -> forall c, In c (fold_left push_component cs acc) -> proper c.
Proof.
  revert acc. induction cs as [|x cs IH]; intros acc Hcs Hacc c; simpl; [auto|].
  apply IH; [auto with kandelo|]. intros y. unfold push_component.
  destruct (_ || _) eqn:E; [apply Hacc|]. to_prop. case_bool_decide as Hdd.
  - intros Hy. apply Hacc. destruct acc; [done|by right].
  - intros [<-|Hy]; [|auto]. split_and!; auto with kandelo.
Qed.

(** Walking proper components pushes them all. *)
Lemma fold_proper_rev cs acc : (forall c, In c cs -> proper c) ->
  fold_left push_component cs acc = rev cs ++ acc.
Proof.
  revert acc. induction cs as [|x cs IH]; intros acc H; simpl; [done|].
  destruct (H x) as (H1 & H2 & H3 & _); [by left|].
  unfold push_component at 2. rewrite !bool_decide_eq_false_2 by done. simpl.
  rewrite IH by auto with kandelo. by rewrite <- app_assoc.
Qed.

Lemma split_slash_free c : ~ In slash c -> split c = [c].
Proof.
  induction c as [|b c IH]; simpl; [done|]. intros H.
  destruct (Z.eqb_spec b slash) as [->|]; [tauto|]. rewrite IH by tauto. done.
Qed.

Lemma split_app_slash c rest : ~ In slash c -> split (c ++ slash :: rest) = c :: split rest.
Proof.
  induction c as [|b c IH]; simpl; [done|]. intros H.
  destruct (Z.eqb_spec b slash) as [->|]; [tauto|]. rewrite IH by tauto. done.
Qed.

(** Splitting inverts joining. *)
Lemma split_join cs : (forall c, In c cs -> ~ In slash c) -> split (join cs) = [] :: cs.
Proof.
  induction cs as [|c cs IH]; intros H; [done|]. cbn [join map concat app split].
  rewrite Z.eqb_refl. f_equal. destruct cs as [|d cs].
  - cbn. rewrite app_nil_r. apply split_slash_free. auto with kandelo.
  - specialize (IH ltac:(auto with kandelo)). cbn [join map concat app split] in IH.
    rewrite Z.eqb_refl in IH. simplify_eq. cbn [map concat app].
    rewrite split_app_slash by auto with kandelo. f_equal. assumption.
Qed.

Lemma components_proper path c : In c (components path) -> proper c.
Proof.
  unfold components. rewrite <- in_rev. apply fold_proper; [|done]. intros. by eapply split_no_slash.
Qed.

Lemma components_render cs : (forall c, In c cs -> proper c) -> components (render cs) = cs.
Proof.
  intros H. unfold components, render. case_bool_decide as Hn; [by subst|].
  rewrite split_join by (intros c Hc; by apply H). simpl.
  rewrite fold_proper_rev by done. by rewrite app_nil_r, rev_involutive.
Qed.

Lemma render_absolute cs : exists rest, render cs = slash :: rest.
Proof. unfold render. case_bool_decide; [by exists []|]. destruct cs; [done|]. by eexists. Qed.

(** ** Theorems *)

(** Normal form. A normalised path is the root or a sequence of components
    each preceded by one slash, none of them empty, [.] or [..], so it starts
    with a slash, has no repeated separator and does not end in one; and it is
    the only path of that form with those components. *)
Theorem normalize_path_canonical path :
  exists cs, (forall c, In c cs -> proper c) /\ normalize_path path = render cs
    /\ forall cs', (forall c, In c cs' -> proper c) -> normalize_path path = render cs' -> cs' = cs.
Proof.
  exists (components path). pose proof (components_proper path) as Hp. split_and!; [done..|].
  intros cs' Hp' E. rewrite <- (components_render cs' Hp'), <- E. by apply components_render.
Qed.

(** Idempotence. Normalising a normalised path, or resolving it against any
    directory, gives it back. *)
Theorem normalize_path_idempotent path cwd :
  normalize_path (normalize_path path) = normalize_path path
  /\ resolve_path (normalize_path path) cwd = normalize_path path.
Proof.
  assert (normalize_path (normalize_path path) = normalize_path path) as H.
  { unfold normalize_path. by rewrite components_render by apply components_proper. }
  split; [done|]. destruct (render_absolute (components path)) as [rest Hr].
  unfold resolve_path. fold (normalize_path path) in Hr. rewrite Hr in *.
  by rewrite Z.eqb_refl.
Qed.

(** Absolute paths. [make_absolute] leaves an absolute path alone, keeps
    every byte of a relative one after the directory, and resolving lexically
    either way gives the same path. *)
Theorem make_absolute_resolves path cwd : path <> [] ->
  normalize_path (make_absolute path cwd) = resolve_path path cwd
  /\ exists prefix, make_absolute path cwd = prefix ++ path.
Proof.
  destruct path as [|b path]; [done|]. intros _. simpl. destruct (b =? slash).
  - split; [done|]. by exists [].
  - split; [done|]. by eexists.
Qed.

Lemma make_absolute_resolves_witness :
  normalize_path (make_absolute [dot; dot; slash; 97] [slash; 98]) = [slash; 97].
Proof.
  rewrite (proj1 (make_absolute_resolves [dot; dot; slash; 97] [slash; 98] ltac:(discriminate))).
  reflexivity.
Defined.
