(* ===== verification/NameTree.v ===== *)
(** * Trees of names

    What a file system needs to know of its directories, apart from their
    representation: a partial function from a directory and a name to a child,
    the paths it resolves, and the conditions under which every directory has
    exactly one path. Tmpfs.v is proved against this interface. *)

From S2P Require Import Prelude.

Definition Names : Type := nat -> list Z -> option nat.

(** The node a path leads to. *)
Fixpoint find (c : Names) (r : nat) (q : list (list Z)) : option nat :=
  match q with
  | [] => Some r
  | n :: q => match c r n with Some i => find c i q | None => None end
  end.

(** One name bound to a child, or to none. *)
Definition bind_name (c : Names) (p : nat) (n : list Z) (x : option nat) : Names :=
  fun d m => if decide (d = p /\ m = n) then x else c d m.

(** Every directory has one way in: it is a root, or a child under one name
    of one directory, and some root leads to it. *)
Record tree (c : Names) (dir root : nat -> Prop) : Prop := {
  tree_one : forall d n d' n' i, c d n = Some i -> c d' n' = Some i -> dir i -> d = d' /\ n = n';
  tree_root : forall d n r, root r -> dir r -> c d n <> Some r;
  tree_dir : forall d n i, c d n = Some i -> dir d;
  tree_reach : forall i, dir i -> exists r q, root r /\ dir r /\ find c r q = Some i }.

Section Paths.
Implicit Types (c : Names) (q : list (list Z)) (n : list Z).

Lemma find_app c r q q' :
  find c r (q ++ q') = match find c r q with Some i => find c i q' | None => None end.
Proof.
  revert r. induction q as [|n q IH]; intros r; [done|]. cbn [app find].
  destruct (c r n) as [i|]; [apply IH | done].
Qed.

Lemma find_snoc c r q n :
  find c r (q ++ [n]) = match find c r q with Some i => c i n | None => None end.
Proof. rewrite find_app. destruct (find c r q) as [i|]; [cbn; by destruct (c i n) | done]. Qed.

Lemma find_ext c c' r q : (forall d n, c' d n = c d n) -> find c' r q = find c r q.
Proof. intros H. revert r. induction q as [|n q IH]; intros r; [done|]. cbn. rewrite H. by destruct (c r n). Qed.

Lemma bind_name_eq c p n x : bind_name c p n x p n = x.
Proof. unfold bind_name. by rewrite decide_True. Qed.

Lemma bind_name_ne c p n x d m : ~ (d = p /\ m = n) -> bind_name c p n x d m = c d m.
Proof. intros H. unfold bind_name. by rewrite decide_False. Qed.

Lemma bind_name_id c p n d m : bind_name c p n (c p n) d m = c d m.
Proof. unfold bind_name. by destruct (decide _) as [[-> ->]|]. Qed.
End Paths.

Section Trees.
Context {c : Names} {dir root : nat -> Prop} (T : tree c dir root).
Implicit Types (q : list (list Z)) (n : list Z).

(** A directory has one path. *)
Lemma path_unique r q r' q' i : root r -> root r' -> dir r -> dir r' -> dir i ->
  find c r q = Some i -> find c r' q' = Some i -> r = r' /\ q = q'.
Proof.
  intros Hr Hr' Hd Hd'. revert q' i. induction q as [|n q IH] using rev_ind; intros q' i Hi H H'.
  - destruct q' as [|n' q' _] using rev_ind; [naive_solver|]. exfalso.
    rewrite find_snoc in H'. destruct (find c r' q') as [d'|]; [|done]. injection H as <-.
    by apply (tree_root _ _ _ T d' n' r).
  - destruct q' as [|n' q' _] using rev_ind.
    + exfalso. rewrite find_snoc in H. destruct (find c r q) as [d|]; [|done]. injection H' as <-.
      by apply (tree_root _ _ _ T d n r').
    + rewrite find_snoc in H, H'. destruct (find c r q) as [d|] eqn:E; [|done].
      destruct (find c r' q') as [d'|] eqn:E'; [|done].
      destruct (tree_one _ _ _ T d n d' n' i H H' Hi) as [<- <-].
      by destruct (IH q' d) as [-> ->]; [apply (tree_dir _ _ _ T d n i)|..].
Qed.

(** Rebinding a name leaves the paths alone that do not go through it. *)
Lemma find_bind_other p n x r0 q0 r q : root r0 -> dir r0 -> root r -> dir r -> dir p ->
  find c r0 q0 = Some p -> (forall q', r = r0 -> q <> q0 ++ n :: q') ->
  find (bind_name c p n x) r q = find c r q.
Proof.
  intros Hr0 Hd0 Hr Hd Hp H0. induction q as [|m q IH] using rev_ind; intros Hq; [done|].
  rewrite !find_snoc, IH.
  2: { intros q' E ->. apply (Hq (q' ++ [m]) E). by rewrite <- app_assoc. }
  destruct (find c r q) as [d|] eqn:E; [|done]. apply bind_name_ne. intros [-> ->].
  destruct (path_unique r q r0 q0 p) as [-> ->]; auto. by apply (Hq []).
Qed.

(** The paths through it go on from the new child. *)
Lemma find_bind_through p n x r0 q0 q : root r0 -> dir r0 -> dir p -> find c r0 q0 = Some p ->
  find (bind_name c p n x) r0 (q0 ++ n :: q)
  = match x with Some i => find (bind_name c p n x) i q | None => None end.
Proof.
  intros Hr0 Hd0 Hp H0. rewrite find_app, (find_bind_other p n x r0 q0 r0 q0), H0; auto.
  - cbn [find]. rewrite bind_name_eq. by destruct x.
  - intros q' _ E. apply (f_equal length) in E. rewrite length_app in E. cbn in E. lia.
Qed.
End Trees.

(** Below a node that does not lead to the parent nothing changes. *)
Lemma find_bind_below (c : Names) p n x i q : (forall q', find c i q' <> Some p) ->
  find (bind_name c p n x) i q = find c i q.
Proof.
  revert i. induction q as [|m q IH]; intros i H; [done|]. cbn [find].
  rewrite bind_name_ne. 2: { intros [-> _]. by apply (H []). }
  destruct (c i m) as [j|] eqn:E; [|done]. apply IH. intros q'. specialize (H (m :: q')). cbn in H. by rewrite E in H.
Qed.

(** ** Changing a tree *)

Lemma tree_ext (c c' : Names) (dir dir' root root' : nat -> Prop) : tree c dir root ->
  (forall d n, c' d n = c d n) -> (forall i, dir' i <-> dir i) -> (forall i, dir i -> root' i <-> root i) -> tree c' dir' root'.
Proof.
  intros T Hc Hd Hr. split.
  - intros d n d' n' i. rewrite !Hc, Hd. apply (tree_one _ _ _ T).
  - intros d n r H1 H2. rewrite Hc. rewrite Hd in H2. rewrite Hr in H1 by done. by apply (tree_root _ _ _ T).
  - intros d n i. rewrite Hc, Hd. apply (tree_dir _ _ _ T).
  - intros i. rewrite Hd. intros (r & q & H1 & H2 & H3)%(tree_reach _ _ _ T). exists r, q.
    rewrite Hd, Hr, (find_ext c c') by done. auto.
Qed.

Section Changes.
Context {c : Names} {dir root : nat -> Prop} (T : tree c dir root).
Implicit Types (q : list (list Z)) (n : list Z).

Lemma find_dir r q n i : find c r (q ++ [n]) = Some i -> exists d, find c r q = Some d /\ dir d /\ c d n = Some i.
Proof.
  rewrite find_snoc. destruct (find c r q) as [d|] eqn:E; [|done]. intros H. exists d.
  split; [done|]. split; [by apply (tree_dir _ _ _ T d n i) | done].
Qed.

(** No directory is below itself. *)
Lemma no_cycle p n i q : c p n = Some i -> dir i -> find c i q <> Some p.
Proof.
  intros H Hi E. destruct (tree_reach _ _ _ T p) as (r & q0 & Hr & Hd & H0); [by apply (tree_dir _ _ _ T p n i)|].
  assert (find c r (q0 ++ n :: q) = Some p) as H1 by (rewrite find_app, H0; cbn; by rewrite H).
  destruct (path_unique T r (q0 ++ n :: q) r q0 p) as [_ E']; auto.
  { by apply (tree_dir _ _ _ T p n i). }
  apply (f_equal length) in E'. rewrite length_app in E'. cbn in E'. lia.
Qed.

(** Taking a name away makes the directory behind it a root of its own. *)
Lemma tree_detach (root' : nat -> Prop) p n i : c p n = Some i ->
  (forall r, dir r -> root' r <-> root r \/ r = i) -> tree (bind_name c p n None) dir root'.
Proof.
  intros H Hr. assert (forall d m j, bind_name c p n None d m = Some j -> c d m = Some j /\ ~ (d = p /\ m = n)) as Hs.
  { unfold bind_name. intros d m j. by destruct (decide _). }
  split.
  - intros d m d' m' j [H1 _]%Hs [H2 _]%Hs. by apply (tree_one _ _ _ T).
  - intros d m r Hr' Hd [E Hne]%Hs. apply Hr in Hr' as [Hr'| ->]; [|by apply Hne, (tree_one _ _ _ T d m p n i)|done].
    by apply (tree_root _ _ _ T d m r).
  - intros d m j [H1 _]%Hs. by apply (tree_dir _ _ _ T d m j).
  - intros j Hj. destruct (tree_reach _ _ _ T j Hj) as (r & q & Hr1 & Hd1 & Hq).
    assert (dir p) as Hp by by apply (tree_dir _ _ _ T p n i).
    destruct (tree_reach _ _ _ T p Hp) as (r0 & q0 & Hr0 & Hd0 & H0).
    destruct (decide (r = r0 /\ take (S (length q0)) q = q0 ++ [n])) as [[-> E]|Hne].
    + assert (exists q2, q = q0 ++ n :: q2) as [q2 ->].
      { exists (drop (S (length q0)) q). rewrite <- (take_drop (S (length q0)) q) at 1. by rewrite E, <- app_assoc. }
      rewrite find_app, H0 in Hq. cbn in Hq. rewrite H in Hq.
      assert (dir i) as Hi.
      { destruct q2 as [|m q2]; [naive_solver|]. cbn in Hq. destruct (c i m) as [x|] eqn:E2; [|done].
        by apply (tree_dir _ _ _ T i m x). }
      exists i, q2. split; [apply Hr; auto|]. split; [done|].
      rewrite find_bind_below; [done|]. intros q'. by apply (no_cycle p n).
    + exists r, q. split; [apply Hr; auto|]. split; [done|].
      rewrite (find_bind_other T p n None r0 q0); auto. intros q' -> ->. apply Hne. split; [done|].
      replace (S (length q0)) with (length (q0 ++ [n])) by (rewrite length_app; cbn; lia).
      replace (q0 ++ n :: q') with ((q0 ++ [n]) ++ q') by by rewrite <- app_assoc. by rewrite take_app_length.
Qed.

(** Binding a free name to a root, in a directory that is not below it. *)
Lemma tree_attach (root' : nat -> Prop) p n i r0 q0 : c p n = None -> dir p -> (dir i -> root i) ->
  root r0 -> dir r0 -> r0 <> i -> find c r0 q0 = Some p ->
  (forall r, dir r -> root' r <-> root r /\ r <> i) -> tree (bind_name c p n (Some i)) dir root'.
Proof.
  intros Hn Hp Hi Hr0 Hd0 Hne H0 Hr.
  assert (forall d m j, bind_name c p n (Some i) d m = Some j -> c d m = Some j \/ d = p /\ m = n /\ j = i) as Hs.
  { unfold bind_name. intros d m j. destruct (decide _) as [[-> ->]|]; [|auto]. intros E. injection E as <-. auto. }
  assert (forall d m, dir i -> c d m <> Some i) as Hnew by (intros d m Hdi; apply (tree_root _ _ _ T); auto).
  split.
  - intros d m d' m' j [H1|(-> & -> & ->)]%Hs [H2|(-> & -> & E2)]%Hs Hj; [|subst j| |done].
    + by apply (tree_one _ _ _ T d m d' m' j).
    + by destruct (Hnew d m).
    + by destruct (Hnew d' m').
  - intros d m r Hr' Hd [E|(-> & -> & ->)]%Hs; apply Hr in Hr' as [Hr' Hri]; [|done..].
    by apply (tree_root _ _ _ T d m r).
  - intros d m j [E|(-> & -> & ->)]%Hs; [by apply (tree_dir _ _ _ T d m j) | done].
  - intros j Hj. destruct (tree_reach _ _ _ T j Hj) as (r & q & Hr1 & Hd1 & Hq).
    destruct (decide (r = i)) as [->|Hri].
    + exists r0, (q0 ++ n :: q). split; [apply Hr; auto|]. split; [done|].
      rewrite (find_bind_through T p n (Some i) r0 q0 q) by done. rewrite find_bind_below; [done|].
      intros q' E. by destruct (path_unique T i q' r0 q0 p).
    + exists r, q. split; [apply Hr; auto|]. split; [done|].
      rewrite (find_bind_other T p n (Some i) r0 q0); auto. intros q' -> ->.
      rewrite find_app, H0 in Hq. cbn in Hq. by rewrite Hn in Hq.
Qed.

(** A node nobody names, as a root. *)
Lemma tree_add (dir' root' : nat -> Prop) i : (forall d n, c d n <> Some i) ->
  (forall j, dir' j <-> dir j \/ j = i /\ dir' i) -> (forall r, dir' r -> root' r <-> root r \/ r = i) -> tree c dir' root'.
Proof.
  intros Hn Hd Hr.
  assert (forall j, dir' j -> (exists d n, c d n = Some j) -> dir j) as Hc.
  { intros j [H|[-> _]]%Hd (d & n & E); [done|]. by apply Hn in E. }
  split.
  - intros d n d' n' j H1 H2 Hj. apply (tree_one _ _ _ T d n d' n' j); auto. apply Hc; eauto.
  - intros d n r Hr' Hdr E. apply Hr in Hr' as [H| ->]; [|by apply Hn in E|done].
    apply (tree_root _ _ _ T d n r); auto. apply Hc; eauto.
  - intros d n j E. apply Hd. left. by apply (tree_dir _ _ _ T d n j).
  - intros j [Hj|[-> Hj]]%Hd.
    + destruct (tree_reach _ _ _ T j Hj) as (r & q & H1 & H2 & H3). exists r, q. rewrite Hd, Hr; auto. rewrite Hd. auto.
    + exists i, []. rewrite Hr; auto.
Qed.

(** A root without children can go. *)
Lemma tree_discard (dir' root' : nat -> Prop) i : root i -> (forall n, c i n = None) ->
  (forall j, dir' j <-> dir j /\ j <> i) -> (forall r, dir' r -> root' r <-> root r) -> tree c dir' root'.
Proof.
  intros Hi Hn Hd Hr. split.
  - intros d n d' n' j H1 H2 [Hj _]%Hd. by apply (tree_one _ _ _ T d n d' n' j).
  - intros d n r Hr' Hdr. apply (tree_root _ _ _ T); [by apply Hr | by apply Hd].
  - intros d n j E. apply Hd. split; [by apply (tree_dir _ _ _ T d n j)|]. intros ->. by rewrite Hn in E.
  - intros j [Hj Hne]%Hd. destruct (tree_reach _ _ _ T j Hj) as (r & q & H1 & H2 & H3). exists r, q.
    assert (dir' r) as Hd'.
    { apply Hd. split; [done|]. intros ->. destruct q as [|m q]; [naive_solver|]. cbn in H3. by rewrite Hn in H3. }
    split; [by apply Hr | done].
Qed.

(** Emptying a directory makes its children roots of their own. *)
Definition clear_names (d : nat) : Names := fun x n => if decide (x = d) then None else c x n.

Lemma find_clear d r q j : find c r q = Some j ->
  find (clear_names d) r q = Some j \/ exists q1 n q2, q = q1 ++ n :: q2 /\ find c r q1 = Some d.
Proof.
  revert r. induction q as [|n q IH]; intros r H; [auto|]. cbn [find] in *. unfold clear_names at 1.
  destruct (decide (r = d)) as [->|Hne]; [right; by exists [], n, q|].
  destruct (c r n) as [i|] eqn:E; [|done]. destruct (IH i H) as [H1|(q1 & m & q2 & -> & H1)]; [auto|].
  right. exists (n :: q1), m, q2. split; [done|]. cbn. by rewrite E.
Qed.

Lemma tree_clear (root' : nat -> Prop) d :
  (forall r, dir r -> root' r <-> root r \/ exists n, c d n = Some r) -> tree (clear_names d) dir root'.
Proof.
  intros Hr.
  assert (forall x n j, clear_names d x n = Some j -> c x n = Some j /\ x <> d) as Hs.
  { unfold clear_names. intros x n j. by destruct (decide (x = d)). }
  split.
  - intros x n x' n' j [H1 _]%Hs [H2 _]%Hs. by apply (tree_one _ _ _ T).
  - intros x n r Hr' Hd [E Hne]%Hs. apply Hr in Hr' as [H|[m Hm]]; [by apply (tree_root _ _ _ T x n r)| |done].
    by destruct (tree_one _ _ _ T x n d m r E Hm Hd).
  - intros x n j [E _]%Hs. by apply (tree_dir _ _ _ T x n j).
  - intros j Hj. destruct (tree_reach _ _ _ T j Hj) as (r & q & H1 & H2 & H3).
    destruct (find_clear d r q j H3) as [H4|(q1 & n & q2 & -> & H4)].
    { exists r, q. split; [apply Hr; auto | done]. }
    rewrite find_app, H4 in H3. cbn in H3. destruct (c d n) as [i|] eqn:E; [|done].
    assert (dir i) as Hi.
    { destruct q2 as [|m q2]; [naive_solver|]. cbn in H3. destruct (c i m) as [x|] eqn:E2; [|done].
      by apply (tree_dir _ _ _ T i m x). }
    exists i, q2. split; [apply Hr; eauto|]. split; [done|].
    destruct (find_clear d i q2 j H3) as [H5|(q3 & m & q4 & -> & H5)]; [done|]. by apply (no_cycle d n i q3) in H5.
Qed.
End Changes.
