(* ===== verification/Tmpfs.v ===== *)
(** * The in-memory file system (crates/runtime-core/src/tmpfs.rs)

    The inode slab of the scratch mounts, directories with stable listing
    cookies, links, open and mapped references, quotas, extended attributes
    and directory streams. [write_dirent64] is in procfs.rs.

    An inode index is a [nat] (the vector of inodes holds fewer than 2^25
    slots, see [SLAB_MAX]); the stacks [free_inodes] and [free_dir_iters] have
    their top first; a time is a pair of seconds and nanoseconds. The published
    wall-clock time and the switch of the module are part of the state. Calls
    to other components are recorded in [events]. *)

From S2P Require Import Prelude Path.

(** ** Constants *)

Definition O_ACCMODE : Z := 3.
Definition O_RDONLY : Z := 0.
Definition O_WRONLY : Z := 1.
Definition O_CREAT : Z := 64.
Definition O_EXCL : Z := 128.
Definition O_TRUNC : Z := 512.
Definition O_DIRECTORY : Z := 65536.

Definition DT_FIFO : Z := 1.
Definition DT_DIR : Z := 4.
Definition DT_REG : Z := 8.
Definition DT_LNK : Z := 10.
Definition DT_SOCK : Z := 12.

(** crates/shared/src/lib.rs, module [mode]. *)
Definition S_IFMT : Z := 61440.
Definition S_IFCHR : Z := 8192.
Definition S_IFDIR : Z := 16384.
Definition S_IFREG : Z := 32768.
Definition S_IFLNK : Z := 40960.
Definition S_IFSOCK : Z := 49152.

Definition S_ISUID : Z := 2048.
Definition S_ISGID : Z := 1024.
Definition S_IXGRP : Z := 8.
(** The mask [0o7777] of the permission bits. *)
Definition PERMISSIONS : Z := 4095.

Definition TMPFS_FILE_HANDLE_BASE : Z := 2000000000.
Definition TMPFS_DIR_HANDLE_BASE : Z := 3000000000.
Definition HANDLE_BAND_WIDTH : Z := 1000000000.
Definition TMPFS_DEV_BASE : Z := 1946157056.
Definition TMPFS_MAGIC : Z := 16914836.
Definition FS_MAGIC : Z := 1264075592.
Definition EXCHANGE_GID : Z := 120.
Definition DEFAULT_BYTE_LIMIT : Z := 67108864.
Definition MAX_XATTRS_PER_INODE : Z := 64.
Definition ST_NOSUID : Z := 2.

(** [isize::MAX], the largest size of a vector in bytes. *)
Definition isize_max : Z := i32_max.
(** A slot of the slabs takes more than 64 bytes, so a vector of them panics
    with a capacity overflow before it has 2^25. *)
Definition SLAB_MAX : Z := 33554432.

Record LayoutNode : Type := mkLayout { l_path : list Z; type_bits : Z; l_mode : Z; l_uid : Z; l_gid : Z }.
Record ScratchMount : Type := mkMount {
  prefix : list Z; m_mode : Z; m_uid : Z; m_gid : Z; m_dev : Z; magic : Z;
  layout : list LayoutNode; byte_limit : option Z }.

(** [/run/kandelo/exchange]. *)
Definition MOUNT_PATH : list Z :=
  [47;114;117;110;47;107;97;110;100;101;108;111;47;101;120;99;104;97;110;103;101].
(** [events], [inbox], [work], [work/clone] and [outbox]. *)
Definition EXCHANGE_LAYOUT : list LayoutNode := [
  mkLayout [101;118;101;110;116;115] S_IFCHR 288 0 EXCHANGE_GID;
  mkLayout [105;110;98;111;120] S_IFDIR 504 0 EXCHANGE_GID;
  mkLayout [119;111;114;107] S_IFDIR 488 0 EXCHANGE_GID;
  mkLayout [119;111;114;107;47;99;108;111;110;101] S_IFCHR 288 0 EXCHANGE_GID;
  mkLayout [111;117;116;98;111;120] S_IFDIR 504 0 EXCHANGE_GID ].
(** [/tmp], [/run], [/dev/shm] and the exchange. *)
Definition SCRATCH_MOUNTS : list ScratchMount := [
  mkMount [47;116;109;112] 1023 0 0 TMPFS_DEV_BASE TMPFS_MAGIC [] None;
  mkMount [47;114;117;110] 493 0 0 (TMPFS_DEV_BASE + 3) TMPFS_MAGIC [] None;
  mkMount [47;100;101;118;47;115;104;109] 1023 0 0 (TMPFS_DEV_BASE + 4) TMPFS_MAGIC [] None;
  mkMount MOUNT_PATH 493 0 0 (TMPFS_DEV_BASE + 5) FS_MAGIC EXCHANGE_LAYOUT (Some DEFAULT_BYTE_LIMIT) ].

(** ** Directories *)

(** The order of byte strings, which a [BTreeMap] keyed by them iterates in. *)
Fixpoint bytes_le (a b : list Z) : bool :=
  match a, b with
  | [], _ => true
  | _ :: _, [] => false
  | x :: a, y :: b => (x <? y) || (x =? y) && bytes_le a b
  end.

Definition name_le {A} (a b : list Z * A) : Prop := bytes_le (fst a) (fst b) = true.
#[global] Instance name_le_dec {A} (a b : list Z * A) : Decision (name_le a b).
Proof. unfold name_le. apply _. Defined.
Definition cookie_le {A} (a b : Z * A) : Prop := fst a <= fst b.
#[global] Instance cookie_le_dec {A} (a b : Z * A) : Decision (cookie_le a b).
Proof. unfold cookie_le. apply _. Defined.

Record DirEntries : Type := mkEntries {
  by_name : gmap (list Z) (nat * Z);
  by_cookie : gmap Z (list Z);
  next_cookie : Z }.
Definition new_entries : DirEntries := mkEntries ∅ ∅ 0.

(** [insert]; the panic is the overflow of the cookie counter. *)
Definition insert_name (name : list Z) (i : nat) (e : DirEntries) : option (DirEntries * option nat) :=
  match by_name e !! name with
  | Some (old, cookie) => Some (mkEntries (<[name := (i, cookie)]> (by_name e)) (by_cookie e) (next_cookie e), Some old)
  | None =>
      match checked_add u64_max (next_cookie e) 1 with
      | Some next => Some (mkEntries (<[name := (i, next_cookie e)]> (by_name e))
                             (<[next_cookie e := name]> (by_cookie e)) next, None)
      | None => None
      end
  end.
Definition remove_name (name : list Z) (e : DirEntries) : DirEntries * option nat :=
  match by_name e !! name with
  | Some (i, cookie) => (mkEntries (delete name (by_name e)) (delete cookie (by_cookie e)) (next_cookie e), Some i)
  | None => (e, None)
  end.
Definition get_name (name : list Z) (e : DirEntries) : option nat := fst <$> by_name e !! name.
Definition entry_count (e : DirEntries) : nat := size (by_name e).
Definition no_entries (e : DirEntries) : bool := (entry_count e =? 0)%nat.

(** [iter]: the entries in the order of their names. *)
Definition sorted_entries (e : DirEntries) : list (list Z * nat) :=
  map (fun kv => (fst kv, fst (snd kv)))
    (merge_sort name_le (map_to_list (by_name e))).
(** [values] and [into_children]. *)
Definition children (e : DirEntries) : list nat := map snd (sorted_entries e).
(** [from_cookie]: cookie, name and child in the order of the cookies;
    [self.by_name[name]] panics when the name is missing. *)
Definition cookies_from (first : Z) (e : DirEntries) : list (Z * list Z) :=
  merge_sort cookie_le (List.filter (fun kv : Z * list Z => first <=? fst kv) (map_to_list (by_cookie e))).
Definition from_cookie (first : Z) (e : DirEntries) : option (list (Z * list Z * nat)) :=
  mapM (fun kv : Z * list Z => match by_name e !! snd kv with
                               | Some (i, _) => Some (fst kv, snd kv, i)
                               | None => None
                               end) (cookies_from first e).

(** ** Inodes *)

Inductive InodeKind : Type :=
  | Dir (entries : DirEntries)
  | Regular (data : list Z)
  | Symlink (target : list Z)
  | Special (bits : Z)
  | HostBacked (source size : Z).

Record Inode : Type := mkInode {
  kind : InodeKind; mode : Z; uid : Z; gid : Z; nlink : Z; open_count : Z; map_pins : Z;
  content_gen : Z; xattrs : gmap (list Z) (list Z); frozen : bool; dev : Z; ino : Z;
  atime : Z * Z; mtime : Z * Z; ctime : Z * Z }.

Definition new_inode (now : Z * Z) (k : InodeKind) (mode uid gid nlink dev ino : Z) : Inode :=
  mkInode k mode uid gid nlink 0 0 0 ∅ false dev ino now now now.

Section Setters.
Implicit Types n : Inode.
Definition with_kind n k : Inode :=
  mkInode k (mode n) (uid n) (gid n) (nlink n) (open_count n) (map_pins n) (content_gen n) (xattrs n) (frozen n)
    (dev n) (ino n) (atime n) (mtime n) (ctime n).
Definition with_mode n m : Inode :=
  mkInode (kind n) m (uid n) (gid n) (nlink n) (open_count n) (map_pins n) (content_gen n) (xattrs n) (frozen n)
    (dev n) (ino n) (atime n) (mtime n) (ctime n).
Definition with_owner n u g : Inode :=
  mkInode (kind n) (mode n) u g (nlink n) (open_count n) (map_pins n) (content_gen n) (xattrs n) (frozen n)
    (dev n) (ino n) (atime n) (mtime n) (ctime n).
Definition with_refs n (links opens pins : Z) : Inode :=
  mkInode (kind n) (mode n) (uid n) (gid n) links opens pins (content_gen n) (xattrs n) (frozen n)
    (dev n) (ino n) (atime n) (mtime n) (ctime n).
Definition with_nlink n (links : Z) : Inode := with_refs n links (open_count n) (map_pins n).
Definition with_xattrs n x : Inode :=
  mkInode (kind n) (mode n) (uid n) (gid n) (nlink n) (open_count n) (map_pins n) (content_gen n) x (frozen n)
    (dev n) (ino n) (atime n) (mtime n) (ctime n).
Definition with_frozen n b : Inode :=
  mkInode (kind n) (mode n) (uid n) (gid n) (nlink n) (open_count n) (map_pins n) (content_gen n) (xattrs n) b
    (dev n) (ino n) (atime n) (mtime n) (ctime n).
Definition with_times n a m c : Inode :=
  mkInode (kind n) (mode n) (uid n) (gid n) (nlink n) (open_count n) (map_pins n) (content_gen n) (xattrs n) (frozen n)
    (dev n) (ino n) a m c.

Definition touch_modified (now : Z * Z) n : Inode :=
  mkInode (kind n) (mode n) (uid n) (gid n) (nlink n) (open_count n) (map_pins n) (wrapping_add 64 (content_gen n) 1)
    (xattrs n) (frozen n) (dev n) (ino n) (atime n) now now.
Definition touch_changed (now : Z * Z) n : Inode := with_times n (atime n) (mtime n) now.
Definition clear_setid_on_modify n : Inode :=
  let m := Z.ldiff (mode n) S_ISUID in
  with_mode n (if has_flag m S_IXGRP then Z.ldiff m S_ISGID else m).

Definition type_of n : Z :=
  match kind n with
  | Dir _ => S_IFDIR
  | Regular _ | HostBacked _ _ => S_IFREG
  | Symlink _ => S_IFLNK
  | Special bits => bits
  end.
Definition size_of n : Z :=
  match kind n with
  | Dir e => Z.of_nat (entry_count e)
  | Regular data => lenZ data
  | HostBacked _ size => size
  | Symlink target => lenZ target
  | Special _ => 0
  end.
Definition stat n : WasmStat :=
  mkStat (dev n) (ino n) (Z.lor (type_of n) (Z.land (mode n) PERMISSIONS)) (nlink n) (uid n) (gid n) (size_of n)
    (fst (atime n)) (snd (atime n)) (fst (mtime n)) (snd (mtime n)) (fst (ctime n)) (snd (ctime n)) 0 0.
Definition is_dir_inode n : bool := match kind n with Dir _ => true | _ => false end.
Definition check_mutable n : result unit := if frozen n then Err EPERM else Ok tt.

Definition dirent_type n : Z :=
  match kind n with
  | Dir _ => DT_DIR
  | Symlink _ => DT_LNK
  | Regular _ | HostBacked _ _ => DT_REG
  | Special bits => if Z.land bits S_IFMT =? S_IFSOCK then DT_SOCK else DT_FIFO
  end.
End Setters.

(** [xattr_bytes]: names and values. *)
Definition xattr_bytes (x : gmap (list Z) (list Z)) : Z :=
  map_fold (fun name value acc => lenZ name + lenZ value + acc) 0 x.

(** ** State *)

Record DirIter : Type := mkIter { it_entries : list (list Z * Z * Z); cursor : nat }.

(** Calls to other components. *)
Inductive Event : Type :=
  | ExchangePending                          (** [wakeup::push_exchange_pending] *)
  | Truncated (handle len : Z)               (** [kernel_file_mapping::notify_truncated] *)
  | Changed (what : Z) (path : list Z).      (** [fs_changes::publish] *)

Record TmpfsState : Type := mkState {
  inodes : list (option Inode); free_inodes : list nat; mount_roots : list (option nat);
  dir_iters : list (option DirIter); free_dir_iters : list nat; released_sources : list Z;
  mount_bytes : list Z; byte_limits : list (option Z); next_ino : Z;
  now : Z * Z; enabled : bool; events : list Event }.

Definition new : TmpfsState :=
  mkState [] [] (map (fun _ => None) SCRATCH_MOUNTS) [] [] [] (map (fun _ => 0) SCRATCH_MOUNTS)
    (map byte_limit SCRATCH_MOUNTS) 1 (0, 0) false [].

Section State.
Implicit Types s : TmpfsState.

Definition set_inodes s l free : TmpfsState :=
  mkState l free (mount_roots s) (dir_iters s) (free_dir_iters s) (released_sources s) (mount_bytes s)
    (byte_limits s) (next_ino s) (now s) (enabled s) (events s).
Definition set_roots s l : TmpfsState :=
  mkState (inodes s) (free_inodes s) l (dir_iters s) (free_dir_iters s) (released_sources s) (mount_bytes s)
    (byte_limits s) (next_ino s) (now s) (enabled s) (events s).
Definition set_iters s l free : TmpfsState :=
  mkState (inodes s) (free_inodes s) (mount_roots s) l free (released_sources s) (mount_bytes s)
    (byte_limits s) (next_ino s) (now s) (enabled s) (events s).
Definition set_released s l : TmpfsState :=
  mkState (inodes s) (free_inodes s) (mount_roots s) (dir_iters s) (free_dir_iters s) l (mount_bytes s)
    (byte_limits s) (next_ino s) (now s) (enabled s) (events s).
Definition set_mount_bytes s l : TmpfsState :=
  mkState (inodes s) (free_inodes s) (mount_roots s) (dir_iters s) (free_dir_iters s) (released_sources s) l
    (byte_limits s) (next_ino s) (now s) (enabled s) (events s).
Definition set_limits s l : TmpfsState :=
  mkState (inodes s) (free_inodes s) (mount_roots s) (dir_iters s) (free_dir_iters s) (released_sources s)
    (mount_bytes s) l (next_ino s) (now s) (enabled s) (events s).
Definition set_next_ino s i : TmpfsState :=
  mkState (inodes s) (free_inodes s) (mount_roots s) (dir_iters s) (free_dir_iters s) (released_sources s)
    (mount_bytes s) (byte_limits s) i (now s) (enabled s) (events s).
Definition set_globals s t b : TmpfsState :=
  mkState (inodes s) (free_inodes s) (mount_roots s) (dir_iters s) (free_dir_iters s) (released_sources s)
    (mount_bytes s) (byte_limits s) (next_ino s) t b (events s).
Definition push_event s ev : TmpfsState :=
  mkState (inodes s) (free_inodes s) (mount_roots s) (dir_iters s) (free_dir_iters s) (released_sources s)
    (mount_bytes s) (byte_limits s) (next_ino s) (now s) (enabled s) (events s ++ [ev]).
Definition emit (ev : Event) : op TmpfsState unit := op_modify (fun s => push_event s ev).

(** [get], and [if let Some(inode) = self.get_mut(idx)]. *)
Definition get s (i : nat) : option Inode := match inodes s !! i with Some o => o | None => None end.
Definition put s (i : nat) (n : Inode) : TmpfsState := set_inodes s (<[i := Some n]> (inodes s)) (free_inodes s).
Definition modify (i : nat) (f : Inode -> Inode) s : TmpfsState :=
  match get s i with Some n => put s i (f n) | None => s end.
(** [state.get(idx).ok_or(error)?]. *)
Definition get_or (i : nat) (e : Errno) : op TmpfsState Inode :=
  do! o <- op_get (fun s => get s i);
  op_lift (ok_or o e).

Definition alloc_ino : op TmpfsState Z := fun s =>
  match checked_add u64_max (next_ino s) 1 with
  | Some next => Some (set_next_ino s next, Ok (next_ino s))
  | None => None
  end.

Definition insert_inode (n : Inode) : op TmpfsState nat := fun s =>
  match free_inodes s with
  | i :: free =>
      if (i <? length (inodes s))%nat then Some (set_inodes s (<[i := Some n]> (inodes s)) free, Ok i) else None
  | [] =>
      if lenZ (inodes s) <? SLAB_MAX
      then Some (set_inodes s (inodes s ++ [Some n]) [], Ok (length (inodes s))) else None
  end.

(** [if let Some(inode) = self.get_mut(idx) { inode.nlink += 1 }]. *)
Definition add_link (i : nat) : op TmpfsState unit := fun s =>
  match get s i with
  | Some n => match checked_add u32_max (nlink n) 1 with
              | Some links => Some (put s i (with_nlink n links), Ok tt)
              | None => None
              end
  | None => Some (s, Ok tt)
  end.
Definition drop_link (i : nat) : op TmpfsState unit :=
  op_modify (modify i (fun n => with_nlink n (saturating_sub (nlink n) 1))).
Definition set_nlink (i : nat) (links : Z) : op TmpfsState unit := op_modify (modify i (fun n => with_nlink n links)).

Definition entries_of s (d : nat) : option DirEntries :=
  match get s d with Some n => match kind n with Dir e => Some e | _ => None end | None => None end.

(** [match state.get_mut(d).map(|i| &mut i.kind) { Some(Dir(entries)) =>
    entries.insert(..), _ => .. }]; the result tells which arm was taken. *)
Definition add_entry (d : nat) (name : list Z) (i : nat) : op TmpfsState bool := fun s =>
  match get s d with
  | Some n =>
      match kind n with
      | Dir e => match insert_name name i e with
                 | Some (e', _) => Some (put s d (with_kind n (Dir e')), Ok true)
                 | None => None
                 end
      | _ => Some (s, Ok false)
      end
  | None => Some (s, Ok false)
  end.
Definition drop_entry (d : nat) (name : list Z) : op TmpfsState unit :=
  op_modify (modify d (fun n => match kind n with
                                | Dir e => with_kind n (Dir (fst (remove_name name e)))
                                | _ => n
                                end)).

Definition is_dir_at s (i : nat) : bool := match get s i with Some n => is_dir_inode n | None => false end.

Definition recompute_dir_nlink (d : nat) : op TmpfsState unit := fun s =>
  match entries_of s d with
  | Some e =>
      match checked_add u32_max 2 (as_u32 (lenZ (List.filter (is_dir_at s) (children e)))) with
      | Some links => Some (modify d (fun n => with_nlink n links) s, Ok tt)
      | None => None
      end
  | None => Some (s, Ok tt)
  end.

(** The mount whose synthetic device this is. *)
Definition mount_of_dev (dev : Z) : option nat := position (fun m => m_dev m =? dev) SCRATCH_MOUNTS.

Definition charge (dev bytes : Z) : op TmpfsState unit :=
  match mount_of_dev dev with
  | None => op_ret tt
  | Some m =>
      do! current <- (fun s => op_some (mount_bytes s !! m) s);
      do! used <- op_lift (ok_or (checked_add u64_max current bytes) ENOSPC);
      do! limit <- (fun s => op_some (byte_limits s !! m) s);
      if match limit with Some limit => limit <? used | None => false end then op_err ENOSPC
      else op_modify (fun s => set_mount_bytes s (<[m := used]> (mount_bytes s)))
  end.
Definition credit (dev bytes : Z) : op TmpfsState unit :=
  match mount_of_dev dev with
  | None => op_ret tt
  | Some m =>
      do! current <- (fun s => op_some (mount_bytes s !! m) s);
      op_modify (fun s => set_mount_bytes s (<[m := saturating_sub current bytes]> (mount_bytes s)))
  end.

Definition unreferenced (n : Inode) : bool := (nlink n =? 0) && (open_count n =? 0) && (map_pins n =? 0).
Definition maybe_free (i : nat) : op TmpfsState unit := fun s =>
  match get s i with
  | None => Some (s, Ok tt)
  | Some n =>
      if unreferenced n then
        (do! _ <- (match kind n with
                   | HostBacked source _ =>
                       do! _ <- op_modify (fun s => set_released s (released_sources s ++ [source]));
                       emit ExchangePending
                   | _ => op_ret tt
                   end);
         do! _ <- (match kind n with Regular data => credit (dev n) (lenZ data) | _ => op_ret tt end);
         do! _ <- credit (dev n) (xattr_bytes (xattrs n));
         op_modify (fun s => set_inodes s (<[i := None]> (inodes s)) (i :: free_inodes s))) s
      else Some (s, Ok tt)
  end.

(** ** Resolution *)

Definition split_components (rel : list Z) : list (list Z) :=
  List.filter (fun c => negb (bool_decide (c = []))) (split rel).
Definition starts_with (p path : list Z) : bool := bool_decide (take (length p) path = p).
(** [path == p || (path.len() > p.len() && path.starts_with(p) && path[p.len()] == b'/')]. *)
Definition below (p path : list Z) : bool :=
  (length p <? length path)%nat && starts_with p path && bool_decide (path !! length p = Some slash).
Fixpoint match_from (i : nat) (mounts : list ScratchMount) (path : list Z) (best : option (nat * list Z))
    : option (nat * list Z) :=
  match mounts with
  | [] => best
  | m :: mounts =>
      let p := prefix m in
      let better := match best with None => true | Some (_, r) => (length path - length r <? length p)%nat end in
      match_from (S i) mounts path
        (if (bool_decide (path = p) || below p path) && better then Some (i, drop (length p) path) else best)
  end.
Definition match_mount (path : list Z) : option (nat * list Z) := match_from 0 SCRATCH_MOUNTS path None.

Fixpoint walk s (cur : nat) (components : list (list Z)) : result nat :=
  match components with
  | [] => Ok cur
  | c :: components =>
      let? n := ok_or (get s cur) ENOENT in
      match kind n with
      | Dir e => let? next := ok_or (get_name c e) ENOENT in walk s next components
      | _ => Err ENOTDIR
      end
  end.
Definition walk_from (cur : nat) (components : list (list Z)) : op TmpfsState nat :=
  fun s => Some (s, walk s cur components).

Definition insert_layout_node (root : nat) (node : LayoutNode) (dev : Z) : op TmpfsState unit :=
  let comps := split_components (l_path node) in
  do! name <- op_some (last comps);
  do! parent <- (fun s => match walk s root (removelast comps) with Ok p => Some (s, Ok p) | Err _ => None end);
  do! i <- alloc_ino;
  do! t <- op_get now;
  let directory := type_bits node =? S_IFDIR in
  do! idx <- insert_inode
    (if directory then new_inode t (Dir new_entries) (l_mode node) (l_uid node) (l_gid node) 2 dev i
     else new_inode t (Special (type_bits node)) (l_mode node) (l_uid node) (l_gid node) 1 dev i);
  do! _ <- (if directory then add_link parent else op_ret tt);
  do! _ <- add_entry parent name idx;
  op_ret tt.
Fixpoint insert_layout (root : nat) (nodes : list LayoutNode) (dev : Z) : op TmpfsState unit :=
  match nodes with
  | [] => op_ret tt
  | node :: nodes => do! _ <- insert_layout_node root node dev; insert_layout root nodes dev
  end.

Definition mount_root (m : nat) : op TmpfsState nat :=
  do! known <- (fun s => op_some (mount_roots s !! m) s);
  match known with
  | Some root => op_ret root
  | None =>
      do! mount <- op_some (SCRATCH_MOUNTS !! m);
      do! i <- alloc_ino;
      do! t <- op_get now;
      do! root <- insert_inode (new_inode t (Dir new_entries) (m_mode mount) (m_uid mount) (m_gid mount) 2 (m_dev mount) i);
      do! _ <- op_modify (fun s => set_roots s (<[m := Some root]> (mount_roots s)));
      do! _ <- insert_layout root (layout mount) (m_dev mount);
      op_ret root
  end.

(** Parent, last component and target of a path; the mount root itself has no
    last component. *)
Definition resolve (m : nat) (rel : list (list Z)) : op TmpfsState (nat * option (list Z) * option nat) :=
  do! root <- mount_root m;
  match last rel with
  | None => op_ret (root, None, Some root)
  | Some name =>
      do! parent <- walk_from root (removelast rel);
      do! n <- get_or parent ENOENT;
      match kind n with
      | Dir e => op_ret (parent, Some name, get_name name e)
      | _ => op_err ENOTDIR
      end
  end.

(** [let (mount, rel) = match_mount(path).ok_or(ENOENT)?] and the components. *)
Definition locate (path : list Z) : op TmpfsState (nat * list (list Z)) :=
  do! found <- op_lift (ok_or (match_mount path) ENOENT);
  op_ret (fst found, split_components (snd found)).
Definition mount_dev (m : nat) : op TmpfsState Z :=
  do! mount <- op_some (SCRATCH_MOUNTS !! m); op_ret (m_dev mount).
(** [state.mount_root(mount)] and [state.walk(root, &comps)]. *)
Definition walk_path (path : list Z) : op TmpfsState nat :=
  do! at_ <- locate path;
  do! root <- mount_root (fst at_);
  walk_from root (snd at_).
Definition resolve_at (path : list Z) : op TmpfsState (nat * option (list Z) * option nat) :=
  do! at_ <- locate path; resolve (fst at_) (snd at_).

(** ** Handles *)

Definition is_tmpfs_file_handle (handle : Z) : bool :=
  (handle <=? - TMPFS_FILE_HANDLE_BASE) && (- TMPFS_DIR_HANDLE_BASE <? handle).
Definition is_tmpfs_dir_handle (handle : Z) : bool :=
  (handle <=? - TMPFS_DIR_HANDLE_BASE) && (- (TMPFS_DIR_HANDLE_BASE + HANDLE_BAND_WIDTH) <? handle).
(** [u32::try_from] of an [i64]. *)
Definition try_u32 (x : Z) : option nat := if (0 <=? x) && (x <=? u32_max) then Some (Z.to_nat x) else None.
Definition file_handle_to_inode (handle : Z) : result nat :=
  if is_tmpfs_file_handle handle then ok_or (try_u32 (- handle - TMPFS_FILE_HANDLE_BASE)) EBADF else Err EBADF.
Definition inode_to_file_handle (i : nat) : Z := - (TMPFS_FILE_HANDLE_BASE + Z.of_nat i).
Definition dir_handle_to_iter (handle : Z) : result nat :=
  if is_tmpfs_dir_handle handle then ok_or (try_u32 (- handle - TMPFS_DIR_HANDLE_BASE)) EBADF else Err EBADF.
Definition iter_to_dir_handle (i : nat) : Z := - (TMPFS_DIR_HANDLE_BASE + Z.of_nat i).
Definition inode_of (handle : Z) : op TmpfsState nat := op_lift (file_handle_to_inode handle).
End State.

Section Operations.
Implicit Types s : TmpfsState.

(** ** Queries of the module *)

Definition set_byte_limit (p : list Z) (limit : option Z) : op TmpfsState unit :=
  do! m <- op_lift (ok_or (position (fun mount => bool_decide (prefix mount = p)) SCRATCH_MOUNTS) EINVAL);
  do! _ <- (fun s => op_some (byte_limits s !! m) s);
  op_modify (fun s => set_limits s (<[m := limit]> (byte_limits s))).
Definition byte_usage (path : list Z) : op TmpfsState (Z * option Z) :=
  do! found <- op_lift (ok_or (match_mount path) ENOENT);
  do! used <- (fun s => op_some (mount_bytes s !! fst found) s);
  do! limit <- (fun s => op_some (byte_limits s !! fst found) s);
  op_ret (used, limit).
Definition mount_prefix (path : list Z) : option (list Z) :=
  match match_mount path with
  | Some (m, _) => prefix <$> SCRATCH_MOUNTS !! m
  | None => None
  end.
Definition set_enabled (b : bool) : op TmpfsState bool := fun s => Some (set_globals s (now s) b, Ok (enabled s)).
Definition set_now (sec nsec : Z) : op TmpfsState unit := op_modify (fun s => set_globals s (sec, nsec) (enabled s)).
Definition owns_path (path : list Z) : bool := bool_decide (is_Some (match_mount path)).
Definition claims_path s (path : list Z) : bool := enabled s && owns_path path.

Definition lstat (path : list Z) : op TmpfsState WasmStat :=
  do! i <- walk_path path;
  do! n <- get_or i ENOENT;
  op_ret (stat n).

(** ** Opening *)

(** The arm of [open] for an existing target. *)
Definition truncates (flags : Z) : bool := has_flag flags O_TRUNC && negb (Z.land flags O_ACCMODE =? O_RDONLY).
Definition empty_inode (t : Z * Z) (data : list Z) (n : Inode) : Inode :=
  let n := with_kind n (Regular []) in
  touch_modified t (if bool_decide (data = []) then n else clear_setid_on_modify n).
Definition open_existing (flags : Z) (i : nat) : op TmpfsState nat :=
  if has_flag flags O_CREAT && has_flag flags O_EXCL then op_err EEXIST
  else
    do! n <- get_or i ENOENT;
    let writes := negb (Z.land flags O_ACCMODE =? O_RDONLY) in
    let immutable := match kind n with HostBacked _ _ => true | _ => frozen n end in
    match kind n with
    | Special _ => op_err ENXIO
    | _ =>
        if immutable && (writes || has_flag flags O_TRUNC) then op_err EPERM
        else if is_dir_inode n && writes then op_err EISDIR
        else if negb (is_dir_inode n) && has_flag flags O_DIRECTORY then op_err ENOTDIR
        else if has_flag flags O_TRUNC && negb (is_dir_inode n) && writes then
          match kind n with
          | Regular data =>
              do! _ <- credit (dev n) (lenZ data);
              do! t <- op_get now;
              do! _ <- op_modify (modify i (empty_inode t data));
              op_ret i
          | _ => op_ret i
          end
        else op_ret i
    end.
(** A new inode under a name: [alloc_ino], [insert_inode] and the insertion
    into the parent, as every creation does it. *)
Definition add_node (parent : nat) (name : list Z) (mk : Z * Z -> Z -> Inode) : op TmpfsState nat :=
  do! i <- alloc_ino;
  do! t <- op_get now;
  do! idx <- insert_inode (mk t i);
  do! added <- add_entry parent name idx;
  if added : bool then op_ret idx else op_err ENOTDIR.
(** The other arm: create a regular file. *)
Definition open_create (flags md u g : Z) (parent : nat) (name : option (list Z)) (dev : Z) : op TmpfsState nat :=
  if negb (has_flag flags O_CREAT) then op_err ENOENT
  else if has_flag flags O_DIRECTORY then op_err ENOTDIR
  else
    do! name <- op_lift (ok_or name ENOENT);
    add_node parent name (fun t i => new_inode t (Regular []) (Z.land md PERMISSIONS) u g 1 dev i).
(** [state.get_mut(i).ok_or(error)?.open_count += 1]. *)
Definition add_open (i : nat) (e : Errno) : op TmpfsState unit :=
  do! n <- get_or i e;
  do! opens <- op_some (checked_add u32_max (open_count n) 1);
  op_modify (modify i (fun n => with_refs n (nlink n) opens (map_pins n))).
Definition open (path : list Z) (flags md u g : Z) : op TmpfsState Z :=
  do! at_ <- locate path;
  do! r <- resolve (fst at_) (snd at_);
  do! dev <- mount_dev (fst at_);
  let '(parent, name, target) := r in
  do! i <- (match target with
            | Some existing => open_existing flags existing
            | None => open_create flags md u g parent name dev
            end);
  do! n <- get_or i ENOENT;
  if is_dir_inode n then op_err EISDIR
  else
    do! _ <- add_open i ENOENT;
    do! _ <- (if truncates flags then emit (Truncated (inode_to_file_handle i) 0) else op_ret tt);
    op_ret (inode_to_file_handle i).

(** ** Reading *)

(** [source_read] answers a read of a host-backed file: source, offset and
    size give the bytes. The result is the bytes copied to the buffer. *)
Definition no_source (_ _ _ : Z) : result (list Z) := Err EIO.
Definition read (source_read : Z -> Z -> Z -> result (list Z)) (handle offset : Z) (size : nat) : op TmpfsState (list Z) :=
  do! i <- inode_of handle;
  if offset <? 0 then op_err EINVAL
  else
    do! n <- get_or i EBADF;
    match kind n with
    | Regular data =>
        let start := as_u32 offset in
        op_ret (if lenZ data <=? start then [] else take size (drop (Z.to_nat start) data))
    | HostBacked source total =>
        if total <=? offset then op_ret []
        else
          let want := Z.min (Z.of_nat size) (total - offset) in
          do! bytes <- op_lift (source_read source offset want);
          if want <? lenZ bytes then op_err EIO else op_ret bytes
    | _ => op_err EISDIR
    end.

(** ** Creation of other nodes *)

(** Create the inode [k t ino] under the last component; [resolve] found no
    target. *)
Definition create_node (m : nat) (comps : list (list Z)) (mk : Z * Z -> Z -> Z -> Inode) : op TmpfsState (nat * nat) :=
  do! r <- resolve m comps;
  let '(parent, name, existing) := r in
  match existing with
  | Some _ => op_err EEXIST
  | None =>
      do! name <- op_lift (ok_or name ENOENT);
      do! dev <- mount_dev m;
      do! idx <- add_node parent name (fun t i => mk t dev i);
      op_ret (parent, idx)
  end.

Definition create_host_backed (path : list Z) (source size md u g : Z) (modified : Z * Z) : op TmpfsState unit :=
  do! at_ <- locate path;
  if bool_decide (snd at_ = []) then op_err EEXIST
  else
    do! _ <- create_node (fst at_) (snd at_) (fun t dev i =>
               let n := new_inode t (HostBacked source size) (Z.land md PERMISSIONS) u g 1 dev i in
               with_times n (atime n) modified (ctime n));
    op_ret tt.

Definition mknod_special (path : list Z) (md u g bits : Z) : op TmpfsState unit :=
  do! at_ <- locate path;
  if bool_decide (snd at_ = []) then op_err EEXIST
  else
    do! _ <- create_node (fst at_) (snd at_) (fun t dev i =>
               new_inode t (Special (Z.land bits S_IFMT)) (Z.land md PERMISSIONS) u g 1 dev i);
    op_ret tt.

Definition symlink (target path : list Z) (u g : Z) : op TmpfsState unit :=
  do! at_ <- locate path;
  if bool_decide (snd at_ = []) then op_err EEXIST
  else if bool_decide (target = []) then op_err ENOENT
  else
    do! _ <- create_node (fst at_) (snd at_) (fun t dev i => new_inode t (Symlink target) 511 u g 1 dev i);
    op_ret tt.

Definition mkdir_on_mount (m : nat) (rel : list Z) (md u g : Z) : op TmpfsState unit :=
  let comps := split_components rel in
  if bool_decide (comps = []) then op_err EEXIST
  else
    do! made <- create_node m comps (fun t dev i => new_inode t (Dir new_entries) (Z.land md PERMISSIONS) u g 2 dev i);
    add_link (fst made).
Definition mkdir (path : list Z) (md u g : Z) : op TmpfsState unit :=
  do! found <- op_lift (ok_or (match_mount path) ENOENT);
  mkdir_on_mount (fst found) (snd found) md u g.

(** The arm [Err(EEXIST)] of [seed_image_directory]. *)
Definition reseed (m : nat) (rel : list Z) (md u g : Z) : op TmpfsState unit :=
  do! r <- resolve m (split_components rel);
  do! i <- op_lift (ok_or (snd r) ENOENT);
  do! n <- get_or i ENOENT;
  if is_dir_inode n
  then op_modify (modify i (fun n => with_owner (with_mode n (Z.land md PERMISSIONS)) u g))
  else op_err ENOTDIR.
Definition seed_image_directory (p path : list Z) (md u g : Z) : op TmpfsState unit :=
  do! m <- op_lift (ok_or (position (fun mount => bool_decide (prefix mount = p)) SCRATCH_MOUNTS) EINVAL);
  if starts_with p path && bool_decide (path !! length p = Some slash) then
    let rel := drop (length p) path in
    op_match (mkdir_on_mount m rel md u g) op_ret
      (fun e => if decide (e = EEXIST) then reseed m rel md u g else op_err e)
  else op_err EINVAL.

(** ** Extended attributes *)

Definition with_inode_at {R} (path : list Z) (f : Inode -> result (Inode * R)) : op TmpfsState R :=
  do! r <- resolve_at path;
  do! i <- op_lift (ok_or (snd r) ENOENT);
  do! n <- get_or i ENOENT;
  do! made <- op_lift (f n);
  do! _ <- op_modify (fun s => put s i (fst made));
  op_ret (snd made).
Definition with_inode_handle {R} (handle : Z) (f : Inode -> result (Inode * R)) : op TmpfsState R :=
  do! i <- inode_of handle;
  do! n <- get_or i EBADF;
  do! made <- op_lift (f n);
  do! _ <- op_modify (fun s => put s i (fst made));
  op_ret (snd made).
Definition with_state_at {R} (path : list Z) (f : nat -> op TmpfsState R) : op TmpfsState R :=
  do! r <- resolve_at path;
  do! i <- op_lift (ok_or (snd r) ENOENT);
  f i.

Definition get_xattr (name : list Z) (n : Inode) : result (Inode * list Z) :=
  let? v := ok_or (xattrs n !! name) ENODATA in Ok (n, v).
Definition list_xattrs (n : Inode) : result (Inode * list (list Z)) :=
  Ok (n, map fst (merge_sort name_le (map_to_list (xattrs n)))).
Definition xattr_get (path name : list Z) : op TmpfsState (list Z) := with_inode_at path (get_xattr name).
Definition xattr_names (path : list Z) : op TmpfsState (list (list Z)) := with_inode_at path list_xattrs.
Definition xattr_get_handle (handle : Z) (name : list Z) : op TmpfsState (list Z) := with_inode_handle handle (get_xattr name).
Definition xattr_names_handle (handle : Z) : op TmpfsState (list (list Z)) := with_inode_handle handle list_xattrs.

Definition store_xattr (i : nat) (name : list Z) (value : option (list Z)) (enforce_frozen : bool) : op TmpfsState unit :=
  do! n <- get_or i ENOENT;
  do! _ <- op_lift (if enforce_frozen then check_mutable n else Ok tt);
  let old := match xattrs n !! name with Some v => Some (lenZ name + lenZ v) | None => None end in
  do! t <- op_get now;
  match value with
  | None =>
      do! freed <- op_lift (ok_or old ENODATA);
      do! _ <- op_modify (modify i (fun n => touch_changed t (with_xattrs n (delete name (xattrs n)))));
      credit (dev n) freed
  | Some v =>
      if bool_decide (old = None) && (MAX_XATTRS_PER_INODE <=? Z.of_nat (size (xattrs n))) then op_err ENOSPC
      else
        let new_size := lenZ name + lenZ v in
        let old_size := match old with Some o => o | None => 0 end in
        do! _ <- (if old_size <? new_size then charge (dev n) (new_size - old_size)
                  else credit (dev n) (old_size - new_size));
        op_modify (modify i (fun n => touch_changed t (with_xattrs n (<[name := v]> (xattrs n)))))
  end.
Definition xattr_set (path name value : list Z) : op TmpfsState unit :=
  with_state_at path (fun i => store_xattr i name (Some value) true).
Definition xattr_remove (path name : list Z) : op TmpfsState unit :=
  with_state_at path (fun i => store_xattr i name None true).
Definition xattr_set_handle (handle : Z) (name value : list Z) : op TmpfsState unit :=
  do! i <- inode_of handle; store_xattr i name (Some value) true.
Definition xattr_remove_handle (handle : Z) (name : list Z) : op TmpfsState unit :=
  do! i <- inode_of handle; store_xattr i name None true.
Definition xattr_set_kernel (path name value : list Z) : op TmpfsState unit :=
  with_state_at path (fun i => store_xattr i name (Some value) false).

Definition freeze (path : list Z) : op TmpfsState unit := with_inode_at path (fun n => Ok (with_frozen n true, tt)).
Definition is_unreferenced (path : list Z) : op TmpfsState bool :=
  with_inode_at path (fun n => Ok (n, (open_count n =? 0) && (map_pins n =? 0))).
Definition dir_entry_count (path : list Z) : op TmpfsState Z :=
  with_inode_at path (fun n => match kind n with Dir e => Ok (n, Z.of_nat (entry_count e)) | _ => Err ENOTDIR end).
Definition take_released_sources : op TmpfsState (list Z) := fun s => Some (set_released s [], Ok (released_sources s)).

(** ** Content *)

(** [mem] tells whether the allocator grants the growth. *)
Definition grow_file_bytes (mem : bool) (data : list Z) (new_len : Z) (e : Errno) : result (list Z) :=
  if lenZ data <? new_len then
    if mem && (new_len <=? isize_max) then Ok (data ++ replicate (Z.to_nat (new_len - lenZ data)) 0) else Err e
  else Ok (take (Z.to_nat new_len) data).
(** [data[start..start + buf.len()].copy_from_slice(buf)]. *)
Definition splice (start : nat) (buf data : list Z) : list Z :=
  take start data ++ buf ++ drop (start + length buf) data.

Definition write (mem : bool) (handle offset : Z) (buf : list Z) : op TmpfsState Z :=
  do! i <- inode_of handle;
  if offset <? 0 then op_err EINVAL
  else
    do! n <- get_or i EBADF;
    let start := as_u32 offset in
    do! end_ <- op_lift (ok_or (checked_add usize_max start (lenZ buf)) EFBIG);
    let current := match kind n with Regular data => lenZ data | _ => end_ end in
    let growth := saturating_sub end_ current in
    do! _ <- (if frozen n then op_ret tt else charge (dev n) growth);
    do! _ <- op_lift (check_mutable n);
    match kind n with
    | Regular data =>
        do! grown <- op_match (op_lift (if lenZ data <? end_ then grow_file_bytes mem data end_ ENOSPC else Ok data))
                       op_ret (fun e => do! _ <- credit (dev n) growth; op_err e);
        do! t <- op_get now;
        do! _ <- op_modify (modify i (fun n =>
          let n := with_kind n (Regular (splice (Z.to_nat start) buf grown)) in
          touch_modified t (if bool_decide (buf = []) then n else clear_setid_on_modify n)));
        op_ret (lenZ buf)
    | HostBacked _ _ => op_err EPERM
    | _ => op_err EISDIR
    end.

Definition file_size (handle : Z) : op TmpfsState Z :=
  do! i <- inode_of handle;
  do! n <- get_or i EBADF;
  match kind n with
  | Regular data => op_ret (lenZ data)
  | HostBacked _ total => if total <=? i64_max then op_ret total else op_err EOVERFLOW
  | _ => op_err EISDIR
  end.
Definition fstat (handle : Z) : op TmpfsState WasmStat :=
  do! i <- inode_of handle;
  do! n <- get_or i EBADF;
  op_ret (stat n).

Definition truncate_handle_inner (mem : bool) (handle length_ : Z) : op TmpfsState unit :=
  do! i <- inode_of handle;
  do! new_len <- op_lift (if (0 <=? length_) && (length_ <=? usize_max) then Ok length_ else Err EINVAL);
  do! n <- get_or i EBADF;
  do! _ <- op_lift (check_mutable n);
  let old_len := match kind n with Regular data => lenZ data | _ => new_len end in
  do! _ <- (if old_len <? new_len then charge (dev n) (new_len - old_len) else credit (dev n) (old_len - new_len));
  match kind n with
  | Regular data =>
      do! resized <- op_lift (grow_file_bytes mem data new_len EFBIG);
      do! t <- op_get now;
      op_modify (modify i (fun n =>
        let n := with_kind n (Regular resized) in
        touch_modified t (if lenZ data =? new_len then n else clear_setid_on_modify n)))
  | HostBacked _ _ => op_err EPERM
  | _ => op_err EISDIR
  end.
Definition truncate_handle (mem : bool) (handle length_ : Z) : op TmpfsState unit :=
  do! _ <- truncate_handle_inner mem handle length_;
  emit (Truncated handle length_).

(** ** References *)

Definition add_ref_handle (handle : Z) : op TmpfsState bool := fun s =>
  match file_handle_to_inode handle with
  | Err _ => Some (s, Ok false)
  | Ok i =>
      match get s i with
      | None => Some (s, Ok false)
      | Some n => match checked_add u32_max (open_count n) 1 with
                  | Some opens => Some (put s i (with_refs n (nlink n) opens (map_pins n)), Ok true)
                  | None => None
                  end
      end
  end.
Definition release_handle (handle : Z) : op TmpfsState bool := fun s =>
  match file_handle_to_inode handle with
  | Err _ => Some (s, Ok false)
  | Ok i =>
      match get s i with
      | None => Some (s, Ok false)
      | Some n =>
          let opens := saturating_sub (open_count n) 1 in
          (do! _ <- maybe_free i; op_ret (opens =? 0)) (put s i (with_refs n (nlink n) opens (map_pins n)))
      end
  end.
Definition pin_mapping (handle : Z) : op TmpfsState unit :=
  do! i <- inode_of handle;
  do! n <- get_or i EBADF;
  match kind n with
  | Regular _ | HostBacked _ _ =>
      do! pins <- op_lift (ok_or (checked_add u32_max (map_pins n) 1) EOVERFLOW);
      op_modify (modify i (fun n => with_refs n (nlink n) (open_count n) pins))
  | _ => op_err EBADF
  end.
Definition unpin_mapping (handle : Z) : op TmpfsState unit :=
  match file_handle_to_inode handle with
  | Err _ => op_ret tt
  | Ok i =>
      do! _ <- op_modify (modify i (fun n => with_refs n (nlink n) (open_count n) (saturating_sub (map_pins n) 1)));
      maybe_free i
  end.
Definition content_generation (handle : Z) : op TmpfsState Z :=
  do! i <- inode_of handle;
  do! n <- get_or i EBADF;
  op_ret (content_gen n).
Definition iter_at s (i : nat) : option DirIter := match dir_iters s !! i with Some o => o | None => None end.
Definition handle_is_live s (handle : Z) : bool :=
  match file_handle_to_inode handle with
  | Ok i => bool_decide (is_Some (get s i))
  | Err _ =>
      match dir_handle_to_iter handle with
      | Ok i => bool_decide (is_Some (iter_at s i))
      | Err _ => false
      end
  end.

(** ** Removal *)

Definition rmdir (path : list Z) : op TmpfsState unit :=
  do! at_ <- locate path;
  if bool_decide (snd at_ = []) then op_err EBUSY
  else
    do! r <- resolve (fst at_) (snd at_);
    let '(parent, name, target) := r in
    do! target <- op_lift (ok_or target ENOENT);
    do! name <- op_lift (ok_or name ENOENT);
    do! n <- get_or target ENOENT;
    match kind n with
    | Dir e =>
        if no_entries e then
          do! _ <- drop_entry parent name;
          do! _ <- drop_link parent;
          do! _ <- set_nlink target 0;
          maybe_free target
        else op_err ENOTEMPTY
    | _ => op_err ENOTDIR
    end.

Definition unlink (path : list Z) : op TmpfsState unit :=
  do! at_ <- locate path;
  if bool_decide (snd at_ = []) then op_err EISDIR
  else
    do! r <- resolve (fst at_) (snd at_);
    let '(parent, name, target) := r in
    do! target <- op_lift (ok_or target ENOENT);
    do! name <- op_lift (ok_or name ENOENT);
    do! n <- get_or target ENOENT;
    if is_dir_inode n then op_err EISDIR
    else
      do! _ <- drop_entry parent name;
      do! _ <- drop_link target;
      do! _ <- maybe_free target;
      emit (Changed 2 path).

(** [core::mem::take(entries)] of a directory. *)
Definition take_children (d : nat) : op TmpfsState (list nat) := fun s =>
  match entries_of s d with
  | Some e => Some (modify d (fun n => with_kind n (Dir new_entries)) s, Ok (children e))
  | None => Some (s, Ok [])
  end.
(** The loop over the children of one directory; the result is the stack. *)
Fixpoint remove_children (cs : list nat) (stack : list nat) : op TmpfsState (list nat) :=
  match cs with
  | [] => op_ret stack
  | c :: cs =>
      do! dir <- op_get (fun s => is_dir_at s c);
      if dir : bool then remove_children cs (c :: stack)
      else
        do! _ <- drop_link c;
        do! _ <- maybe_free c;
        remove_children cs stack
  end.
(** [while let Some(directory) = directories.pop()]. *)
Fixpoint remove_directories (fuel : nat) (stack : list nat) : op TmpfsState unit :=
  match stack with
  | [] => op_ret tt
  | d :: stack =>
      match fuel with
      | O => op_panic
      | S fuel =>
          do! cs <- take_children d;
          do! stack <- remove_children cs stack;
          do! _ <- set_nlink d 0;
          do! _ <- maybe_free d;
          remove_directories fuel stack
      end
  end.
Definition remove_tree (path : list Z) : op TmpfsState unit :=
  do! at_ <- locate path;
  if bool_decide (snd at_ = []) then op_err EBUSY
  else
    do! r <- resolve (fst at_) (snd at_);
    let '(parent, name, target) := r in
    do! target <- op_lift (ok_or target ENOENT);
    do! name <- op_lift (ok_or name ENOENT);
    do! n <- get_or target ENOENT;
    if is_dir_inode n then
      do! _ <- drop_entry parent name;
      do! _ <- drop_link parent;
      do! fuel <- op_get (fun s => length (inodes s));
      remove_directories fuel [target]
    else op_err ENOTDIR.

(** ** Rename and link *)

(** The destination a rename replaces: its checks, then its removal. *)
Definition replace_destination (old_is_dir : bool) (parent : nat) (name : list Z) (existing : option nat) : op TmpfsState unit :=
  match existing with
  | None => op_ret tt
  | Some existing =>
      do! n <- get_or existing ENOENT;
      if old_is_dir && negb (is_dir_inode n) then op_err ENOTDIR
      else if negb old_is_dir && is_dir_inode n then op_err EISDIR
      else if match kind n with Dir e => negb (no_entries e) | _ => false end then op_err ENOTEMPTY
      else
        do! _ <- drop_entry parent name;
        do! _ <- set_nlink existing 0;
        maybe_free existing
  end.
Definition rename (old_path new_path : list Z) : op TmpfsState unit :=
  do! old_at <- locate old_path;
  do! new_at <- locate new_path;
  if negb (fst old_at =? fst new_at)%nat then op_err EXDEV
  else if below old_path new_path then op_err EINVAL
  else if bool_decide (snd old_at = []) || bool_decide (snd new_at = []) then op_err EBUSY
  else
    do! r <- resolve (fst old_at) (snd old_at);
    let '(old_parent, old_name, old_target) := r in
    do! old_target <- op_lift (ok_or old_target ENOENT);
    do! old_name <- op_lift (ok_or old_name ENOENT);
    do! r <- resolve (fst new_at) (snd new_at);
    let '(new_parent, new_name, new_existing) := r in
    do! new_name <- op_lift (ok_or new_name ENOENT);
    do! _ <-
      (if bool_decide (new_existing = Some old_target) then op_ret tt
       else
         do! n <- get_or old_target ENOENT;
         do! _ <- replace_destination (is_dir_inode n) new_parent new_name new_existing;
         do! _ <- drop_entry old_parent old_name;
         do! added <- add_entry new_parent new_name old_target;
         if added : bool then
           do! _ <- recompute_dir_nlink old_parent;
           if (new_parent =? old_parent)%nat then op_ret tt else recompute_dir_nlink new_parent
         else op_err ENOTDIR);
    do! _ <- emit (Changed 2 old_path);
    emit (Changed 1 new_path).

Definition link (old_path new_path : list Z) : op TmpfsState unit :=
  do! old_at <- locate old_path;
  do! new_at <- locate new_path;
  if negb (fst old_at =? fst new_at)%nat then op_err EXDEV
  else if bool_decide (snd new_at = []) then op_err EEXIST
  else
    do! root <- mount_root (fst old_at);
    do! i <- walk_from root (snd old_at);
    do! n <- get_or i ENOENT;
    if is_dir_inode n then op_err EPERM
    else
      do! r <- resolve (fst new_at) (snd new_at);
      let '(parent, name, existing) := r in
      match existing with
      | Some _ => op_err EEXIST
      | None =>
          do! name <- op_lift (ok_or name ENOENT);
          do! added <- add_entry parent name i;
          if added : bool then
            do! _ <- add_link i;
            do! t <- op_get now;
            op_modify (modify i (touch_changed t))
          else op_err ENOTDIR
      end.

(** ** Metadata *)

(** [inode.check_mutable()?] and an update of the inode found by [find]. *)
Definition update_mutable (find : op TmpfsState nat) (e : Errno) (f : Z * Z -> Inode -> Inode) : op TmpfsState unit :=
  do! i <- find;
  do! n <- get_or i e;
  do! _ <- op_lift (check_mutable n);
  do! t <- op_get now;
  op_modify (modify i (f t)).
Definition set_mode (md : Z) (t : Z * Z) (n : Inode) : Inode := touch_changed t (with_mode n (Z.land md PERMISSIONS)).
Definition set_owner (u g : Z) (clear_setid : bool) (t : Z * Z) (n : Inode) : Inode :=
  let n := with_owner n (if u =? u32_max then uid n else u) (if g =? u32_max then gid n else g) in
  touch_changed t (if clear_setid then clear_setid_on_modify n else n).
Definition chmod (path : list Z) (md : Z) : op TmpfsState unit := update_mutable (walk_path path) ENOENT (set_mode md).
Definition chown (path : list Z) (u g : Z) (clear_setid : bool) : op TmpfsState unit :=
  update_mutable (walk_path path) ENOENT (set_owner u g clear_setid).
Definition fchmod (handle md : Z) : op TmpfsState unit := update_mutable (inode_of handle) EBADF (set_mode md).
Definition fchown (handle u g : Z) (clear_setid : bool) : op TmpfsState unit :=
  update_mutable (inode_of handle) EBADF (set_owner u g clear_setid).
Definition utimensat (path : list Z) (accessed modified changed : Z * Z) : op TmpfsState unit :=
  update_mutable (walk_path path) ENOENT (fun _ n => with_times n accessed modified changed).

Definition readlink (path : list Z) (size : nat) : op TmpfsState (list Z) :=
  do! i <- walk_path path;
  do! n <- get_or i ENOENT;
  match kind n with
  | Symlink target => op_ret (take size target)
  | _ => op_err EINVAL
  end.
Definition is_dir (path : list Z) : op TmpfsState bool :=
  op_match (lstat path) (fun st => op_ret (Z.land (st_mode st) S_IFMT =? S_IFDIR)) (fun _ => op_ret false).

Record WasmStatfs : Type := mkStatfs {
  f_type : Z; f_bsize : Z; f_blocks : Z; f_bfree : Z; f_bavail : Z; f_files : Z; f_ffree : Z;
  f_fsid : Z; f_namelen : Z; f_frsize : Z; f_flags : Z; f_pad : Z }.
Definition statfs_for_mount (m : nat) : op TmpfsState WasmStatfs :=
  do! used <- (fun s => op_some (mount_bytes s !! m) s);
  do! limit <- (fun s => op_some (byte_limits s !! m) s);
  do! mount <- op_some (SCRATCH_MOUNTS !! m);
  let blocks := match limit with Some l => l / 4096 | None => 262144 end in
  let free := match limit with Some l => saturating_sub l used / 4096 | None => 262144 end in
  op_ret (mkStatfs (magic mount) 4096 blocks free free 65536 65536 0 255 4096 ST_NOSUID 0).
Definition statfs (path : list Z) : op TmpfsState WasmStatfs :=
  do! found <- op_lift (ok_or (match_mount path) ENOENT);
  statfs_for_mount (fst found).
Definition fstatfs (handle : Z) : op TmpfsState WasmStatfs :=
  do! st <- fstat handle;
  do! m <- op_lift (ok_or (mount_of_dev (st_dev st)) EBADF);
  statfs_for_mount m.

(** ** Whole files for the host *)

Definition read_file_at (path : list Z) (offset : Z) (size : nat) : op TmpfsState (list Z) :=
  do! handle <- open path O_RDONLY 0 0 0;
  op_match (read no_source handle offset size)
    (fun bytes => do! _ <- release_handle handle; op_ret bytes)
    (fun e => do! _ <- release_handle handle; op_err e).
Definition write_file_at (mem : bool) (path : list Z) (offset : Z) (buf : list Z) (md : Z) (truncate : bool) : op TmpfsState Z :=
  let flags := Z.lor (Z.lor O_WRONLY O_CREAT) (if truncate then O_TRUNC else 0) in
  do! handle <- open path flags (Z.land md PERMISSIONS) 0 0;
  op_match
    (do! _ <- (if truncate then fchmod handle (Z.land md PERMISSIONS) else op_ret tt);
     write mem handle offset buf)
    (fun n => do! _ <- release_handle handle; do! _ <- emit (Changed 1 path); op_ret n)
    (fun e => do! _ <- release_handle handle; op_err e).

(** ** Directory streams *)

Fixpoint snapshot s (l : list (list Z * nat)) : result (list (list Z * Z * Z)) :=
  match l with
  | [] => Ok []
  | (name, i) :: l =>
      let? n := ok_or (get s i) ENOENT in
      let? rest := snapshot s l in
      Ok ((name, ino n, dirent_type n) :: rest)
  end.
Definition add_iter (it : DirIter) : op TmpfsState nat := fun s =>
  match free_dir_iters s with
  | i :: free =>
      if (i <? length (dir_iters s))%nat then Some (set_iters s (<[i := Some it]> (dir_iters s)) free, Ok i) else None
  | [] =>
      if lenZ (dir_iters s) <? SLAB_MAX
      then Some (set_iters s (dir_iters s ++ [Some it]) [], Ok (length (dir_iters s))) else None
  end.
Definition opendir (path : list Z) : op TmpfsState Z :=
  do! i <- walk_path path;
  do! n <- get_or i ENOENT;
  match kind n with
  | Dir e =>
      do! l <- (fun s => Some (s, snapshot s (sorted_entries e)));
      do! slot <- add_iter (mkIter l 0);
      op_ret (iter_to_dir_handle slot)
  | _ => op_err ENOTDIR
  end.
(** The next entry with its name, when the name fits the buffer. *)
Definition readdir (handle : Z) (name_size : nat) : op TmpfsState (option (Z * Z * list Z)) :=
  do! i <- op_lift (dir_handle_to_iter handle);
  do! it <- (fun s => Some (s, ok_or (iter_at s i) EBADF));
  match it_entries it !! cursor it with
  | None => op_ret None
  | Some (name, ino, ty) =>
      if (name_size <? length name)%nat then op_err EINVAL
      else
        do! _ <- op_modify (fun s => set_iters s (<[i := Some (mkIter (it_entries it) (S (cursor it)))]> (dir_iters s)) (free_dir_iters s));
        op_ret (Some (ino, ty, name))
  end.
Definition closedir (handle : Z) : op TmpfsState unit :=
  do! i <- op_lift (dir_handle_to_iter handle);
  do! slot <- (fun s => Some (s, ok_or (dir_iters s !! i) EBADF));
  match slot with
  | None => op_err EBADF
  | Some _ => op_modify (fun s => set_iters s (<[i := None]> (dir_iters s)) (i :: free_dir_iters s))
  end.

(** [procfs::write_dirent64]: the record, or nothing when it does not fit. *)
Definition dirent_reclen (name : list Z) : option Z :=
  match checked_add usize_max 19 (lenZ name) with
  | Some a => match checked_add usize_max a 1 with
              | Some b => match checked_add usize_max b 7 with Some c => Some (Z.ldiff c 7) | None => None end
              | None => None
              end
  | None => None
  end.
Definition dirent_bytes (reclen d_ino d_off d_type : Z) (name : list Z) : list Z :=
  le_bytes 8 d_ino ++ le_bytes 8 d_off ++ le_bytes 2 reclen ++ [d_type] ++ name
    ++ replicate (Z.to_nat reclen - (19 + length name)) 0.
Definition write_dirent64 (buf : list Z) (pos : nat) (d_ino d_off d_type : Z) (name : list Z) : list Z * nat :=
  match dirent_reclen name with
  | None => (buf, 0%nat)
  | Some reclen =>
      match checked_add usize_max (Z.of_nat pos) reclen with
      | None => (buf, 0%nat)
      | Some end_ =>
          if (u16_max <? reclen) || (lenZ buf <? end_) then (buf, 0%nat)
          else (splice pos (dirent_bytes reclen d_ino d_off d_type name) buf, Z.to_nat reclen)
      end
  end.

(** Buffer, position, cookie and whether the listing is exhausted. *)
Definition Listing : Type := list Z * nat * Z * bool.
(** A record did not fit: an error on an empty buffer. *)
Definition full (buf : list Z) (pos : nat) (cookie : Z) : result Listing :=
  if (pos =? 0)%nat then Err EINVAL else Ok (buf, pos, cookie, false).
Fixpoint list_entries s (l : list (Z * list Z * nat)) (buf : list Z) (pos : nat) (cookie : Z) : result Listing :=
  match l with
  | [] => Ok (buf, pos, cookie, true)
  | (entry_cookie, name, i) :: l =>
      let? c := ok_or (if entry_cookie <=? i64_max then Some entry_cookie else None) EOVERFLOW in
      let? position := ok_or (checked_add_i64 c 2) EOVERFLOW in
      let? next := ok_or (checked_add_i64 position 1) EOVERFLOW in
      let? n := ok_or (get s i) ENOENT in
      let '(buf', written) := write_dirent64 buf pos (ino n) next (dirent_type n) name in
      if (written =? 0)%nat then full buf pos position else list_entries s l buf' (pos + written) next
  end.
(** The two arms for [.] and [..], then the entries from the cookie on. *)
Definition list_dots (dir_ino : Z) (buf : list Z) (offset : Z) (k : list Z -> nat -> Z -> option (result Listing))
    : option (result Listing) :=
  let dot_arm (c : Z) (name : list Z) (k : list Z -> nat -> Z -> option (result Listing)) buf pos cookie :=
    if cookie =? c then
      let '(buf', written) := write_dirent64 buf pos dir_ino (c + 1) DT_DIR name in
      if (written =? 0)%nat then Some (full buf pos cookie) else k buf' (pos + written)%nat (c + 1)
    else k buf pos cookie in
  dot_arm 0 [dot] (dot_arm 1 [dot; dot] k) buf 0%nat offset.
Definition getdents64 (path : list Z) (buf : list Z) (offset : Z) : op TmpfsState Listing :=
  if offset <? 0 then op_err EINVAL
  else
    do! i <- walk_path path;
    do! n <- get_or i ENOENT;
    match kind n with
    | Dir e => fun s =>
        match list_dots (ino n) buf offset (fun buf pos cookie =>
                match from_cookie (Z.max 0 (cookie - 2)) e with
                | Some l => Some (list_entries s l buf pos cookie)
                | None => None
                end) with
        | Some r => Some (s, r)
        | None => None
        end
    | _ => op_err ENOTDIR
    end.
End Operations.
