(* ===== verification/TmpfsInv.v ===== *)
(** * The invariant of the in-memory file system

    What every state of Tmpfs.v satisfies: the directories form a tree
    (NameTree.v), every count is exact and every name leads to a live inode of
    its mount. The invariant has the exceptions an operation makes on its way:
    [X] are directories whose link count is out of date, [Y] inodes that may be
    without references, [pend] the names that have been taken out of a
    directory, or not been put into one yet. The transitions the operations
    are made of are lemmas on it. *)

From S2P Require Import Prelude Path NameTree Tmpfs.
From Stdlib Require Import Permutation.

#[global] Arguments SCRATCH_MOUNTS : simpl never.

(** ** Counting *)

Definition cnt {A} (p : A -> bool) (l : list A) : Z := lenZ (List.filter p l).
Definition occ (i : nat) (l : list nat) : Z := cnt (Nat.eqb i) l.

Lemma cnt_cons {A} (p : A -> bool) x l : cnt p (x :: l) = (if p x then 1 else 0) + cnt p l.
Proof. unfold cnt. cbn. destruct (p x); cbn [length]; lia. Qed.
Lemma cnt_nil {A} (p : A -> bool) : cnt p [] = 0.
Proof. done. Qed.
Lemma cnt_app {A} (p : A -> bool) l l' : cnt p (l ++ l') = cnt p l + cnt p l'.
Proof. unfold cnt. rewrite List.filter_app, length_app. lia. Qed.
Lemma cnt_nonneg {A} (p : A -> bool) l : 0 <= cnt p l.
Proof. unfold cnt. lia. Qed.
#[global] Instance cnt_perm {A} (p : A -> bool) : Proper (Permutation ==> eq) (cnt p).
Proof. intros l l' H. induction H; rewrite ?cnt_cons; lia. Qed.
#[global] Instance occ_perm i : Proper (Permutation ==> eq) (occ i).
Proof. apply cnt_perm. Qed.
Lemma cnt_ext {A} (p q : A -> bool) l : (forall x, In x l -> p x = q x) -> cnt p l = cnt q l.
Proof. intros H. unfold cnt. by rewrite (List.filter_ext_in p q l H). Qed.
Lemma occ_cons i x l : occ i (x :: l) = (if decide (i = x) then 1 else 0) + occ i l.
Proof. unfold occ. rewrite cnt_cons. case_decide; [subst; by rewrite Nat.eqb_refl|]. by rewrite (proj2 (Nat.eqb_neq _ _)). Qed.
Lemma occ_pos i l : In i l <-> 0 < occ i l.
Proof.
  induction l as [|x l IH]; [done|]. rewrite occ_cons. pose proof (cnt_nonneg (Nat.eqb i) l). fold (occ i l) in *. cbn.
  case_decide; [split; [lia|auto]|]. rewrite IH. intuition; subst; done || lia.
Qed.
Lemma occ_zero i l : ~ In i l -> occ i l = 0.
Proof. rewrite occ_pos. pose proof (cnt_nonneg (Nat.eqb i) l). unfold occ in *. lia. Qed.

(** ** Directories *)

Definition entries_ok (e : DirEntries) : Prop :=
  (forall n ck, (exists i, by_name e !! n = Some (i, ck)) <-> by_cookie e !! ck = Some n)
  /\ (forall ck n, by_cookie e !! ck = Some n -> 0 <= ck < next_cookie e) /\ 0 <= next_cookie e.

Lemma children_spec e : children e ≡ₚ map (fun kv => fst (snd kv)) (map_to_list (by_name e)).
Proof.
  unfold children, sorted_entries. rewrite map_map. cbn. apply Permutation_map.
  apply (merge_sort_Permutation name_le).
Qed.

Lemma children_insert n i e e' o : insert_name n i e = Some (e', o) -> by_name e !! n = None ->
  children e' ≡ₚ i :: children e.
Proof.
  unfold insert_name. intros H Hn. rewrite Hn in H. destruct (checked_add _ _ _); [|done]. injection H as <- <-.
  rewrite !children_spec. cbn [by_name]. rewrite map_to_list_insert by done. done.
Qed.

Lemma children_remove n i ck e : by_name e !! n = Some (i, ck) ->
  children e ≡ₚ i :: children (fst (remove_name n e)).
Proof.
  intros Hn. unfold remove_name. rewrite Hn. cbn [fst]. rewrite !children_spec. cbn [by_name].
  rewrite <- (map_to_list_delete _ _ _ Hn). done.
Qed.

Lemma children_new : children new_entries = [].
Proof. apply Permutation_nil. symmetry. rewrite children_spec. done. Qed.

Lemma no_entries_children e : no_entries e = true -> children e = [] /\ by_name e = ∅.
Proof.
  unfold no_entries, entry_count. intros H%Nat.eqb_eq%map_size_empty_inv. split; [|done].
  apply Permutation_nil. symmetry. rewrite children_spec, H. done.
Qed.

Lemma in_children e i : In i (children e) <-> exists n ck, by_name e !! n = Some (i, ck).
Proof.
  rewrite children_spec, in_map_iff. setoid_rewrite <- list_elem_of_In. split.
  - intros ([n [j ck]] & <- & H%elem_of_map_to_list). eauto.
  - intros (n & ck & H). exists (n, (i, ck)). split; [done|]. by apply elem_of_map_to_list.
Qed.

Lemma entries_ok_new : entries_ok new_entries.
Proof.
  split; [|split; cbn; [intros ck n; by rewrite lookup_empty | done]]. cbn. intros n ck. rewrite !lookup_empty.
  split; [intros [i H]; done | done].
Qed.

Lemma entries_ok_insert n i e e' o : entries_ok e -> insert_name n i e = Some (e', o) -> entries_ok e'.
Proof.
  intros (H1 & H2 & H3) H. unfold insert_name in H. destruct (by_name e !! n) as [[old ck0]|] eqn:En.
  - injection H as <- <-. split; [|done]. cbn. intros m ck. rewrite <- H1.
    destruct (decide (m = n)) as [->|Hne]; [rewrite lookup_insert_eq, En|by rewrite lookup_insert_ne].
    split; intros [j E]; injection E as <- <-; eauto.
  - unfold checked_add in H. destruct (_ <=? _); [|done]. injection H as <- <-. split; [|split]; cbn; [| |lia].
    + intros m ck. destruct (decide (m = n)) as [->|Hne].
      * rewrite lookup_insert_eq. split.
        -- intros [j E]. injection E as <- <-. apply lookup_insert_eq.
        -- intros H. destruct (decide (ck = next_cookie e)) as [->|Hck]; [eauto|].
           rewrite lookup_insert_ne in H by done. apply H1 in H as [j E]. congruence.
      * rewrite lookup_insert_ne by done. rewrite H1.
        destruct (decide (ck = next_cookie e)) as [->|Hck]; [|by rewrite lookup_insert_ne].
        rewrite lookup_insert_eq. split; [intros ?%H2; lia | congruence].
    + intros ck m. destruct (decide (ck = next_cookie e)) as [->|Hck]; [lia|].
      rewrite lookup_insert_ne by done. intros ?%H2. lia.
Qed.

Lemma entries_ok_remove n e : entries_ok e -> entries_ok (fst (remove_name n e)).
Proof.
  intros (H1 & H2 & H3). unfold remove_name. destruct (by_name e !! n) as [[i ck0]|] eqn:En; [|done].
  split; [|split]; cbn; [| |done].
  - intros m ck. rewrite !lookup_delete. destruct (decide (n = m)) as [<-|Hne].
    + split; [intros [j E]; done|]. case_decide as Hck; [done|]. intros [j E]%H1. congruence.
    + rewrite H1. case_decide as Hck; [|done]. subst ck. split; [|done]. intros E.
      assert (by_cookie e !! ck0 = Some n) by (apply H1; eauto). congruence.
  - intros ck m. rewrite lookup_delete. case_decide; [done|]. apply H2.
Qed.

Lemma get_insert_name n i e e' o m : insert_name n i e = Some (e', o) ->
  get_name m e' = if decide (m = n) then Some i else get_name m e.
Proof.
  unfold insert_name, get_name. intros H.
  assert (exists ck, by_name e' = <[n := (i, ck)]> (by_name e)) as [ck ->].
  { destruct (by_name e !! n) as [[j ck]|]; [|destruct (checked_add _ _ _); [|done]]; injection H as <- <-; cbn; eauto. }
  case_decide as Hm; [subst; by rewrite lookup_insert_eq | by rewrite lookup_insert_ne].
Qed.

Lemma get_remove_name n e m : get_name m (fst (remove_name n e)) = if decide (m = n) then None else get_name m e.
Proof.
  unfold remove_name, get_name. case_decide as Hm.
  - subst m. destruct (by_name e !! n) as [[i ck]|] eqn:E; cbn; [by rewrite lookup_delete_eq | by rewrite E].
  - destruct (by_name e !! n) as [[i ck]|] eqn:E; cbn; [by rewrite lookup_delete_ne | done].
Qed.

Lemma get_name_Some n e i : get_name n e = Some i <-> exists ck, by_name e !! n = Some (i, ck).
Proof.
  unfold get_name. destruct (by_name e !! n) as [[j ck]|]; cbn; split.
  - intros E. injection E as <-. eauto.
  - intros [ck' E]. by injection E as <- <-.
  - done.
  - by intros [ck E].
Qed.
#[global] Hint Resolve entries_ok_new entries_ok_remove : kandelo.

(** ** Inodes by index *)

Abbreviation Tab := (gmap nat Inode).

Definition child (t : Tab) : Names := fun d n =>
  match t !! d with
  | Some nd => match kind nd with Dir e => get_name n e | _ => None end
  | None => None
  end.
Definition dirb (t : Tab) (i : nat) : bool := match t !! i with Some n => is_dir_inode n | None => false end.
Definition isd (t : Tab) (i : nat) : Prop := dirb t i = true.
Definition kids (n : Inode) : list nat := match kind n with Dir e => children e | _ => [] end.
(** The number of names of an inode. *)
Definition links (t : Tab) (i : nat) : Z := map_sum (fun n => occ i (kids n)) t.
Definition subdirs (t : Tab) (n : Inode) : Z := cnt (dirb t) (kids n).
(** The bytes an inode is charged for, and those of a mount. *)
Definition bytes_of (n : Inode) : Z :=
  match kind n with Regular data => lenZ data | _ => 0 end + xattr_bytes (xattrs n).
Definition used (t : Tab) (dv : Z) : Z := map_sum (fun n => if dev n =? dv then bytes_of n else 0) t.
Definition root_count (i : nat) (rs : list (option nat)) : Z := cnt (fun o => bool_decide (o = Some i)) rs.

(** The accounts of the mounts, at least what [f] says of their devices. *)
Definition accounts (f : Z -> Z) (bs : list Z) : Prop :=
  exists extra, (forall d, 0 <= extra d) /\ bs = map (fun m => f (m_dev m) + extra (m_dev m)) SCRATCH_MOUNTS.
Lemma accounts_ext (f g : Z -> Z) bs : (forall d, f d = g d) -> accounts f bs -> accounts g bs.
Proof. intros E (x & Hx & ->). exists x. split; [done|]. apply map_ext. intros m. by rewrite E. Qed.

Record fs_ok (X Y pend os ps : list nat) (t : Tab) (rs : list (option nat)) (bs : list Z) : Prop := {
  f_tree : tree (child t) (isd t) (fun r => In (Some r) rs \/ In r pend);
  f_child : forall d n i, child t d n = Some i ->
    exists nd ni, t !! d = Some nd /\ t !! i = Some ni /\ dev ni = dev nd /\ n <> [] /\ ~ In slash n;
  f_root : forall m r, rs !! m = Some (Some r) ->
    exists nd mt, t !! r = Some nd /\ is_dir_inode nd = true /\ SCRATCH_MOUNTS !! m = Some mt /\ dev nd = m_dev mt;
  f_pend : forall i, In i pend -> is_Some (t !! i);
  f_dir : forall i n e, t !! i = Some n -> kind n = Dir e ->
    entries_ok e /\ (~ In i X -> nlink n = 2 + subdirs t n) /\ links t i + occ i pend + root_count i rs = 1;
  f_file : forall i n, t !! i = Some n -> is_dir_inode n = false ->
    nlink n = links t i + occ i pend /\ (~ In i Y -> unreferenced n = false);
  f_refs : forall i n, t !! i = Some n ->
    open_count n = occ i os /\ map_pins n = occ i ps /\ is_Some (mount_of_dev (dev n));
  f_held : forall i, In i os \/ In i ps -> exists n, t !! i = Some n /\ is_dir_inode n = false;
  f_bytes : accounts (used t) bs;
  f_mounts : length rs = length SCRATCH_MOUNTS }.

(** ** Updates of one inode *)

Section Put.
Implicit Types (t : Tab) (n : Inode).

Lemma links_put t i n n' j : t !! i = Some n -> links (<[i := n']> t) j = links t j - occ j (kids n) + occ j (kids n').
Proof. intros H. unfold links. by rewrite (map_sum_update (fun n => occ j (kids n)) t i n n' H). Qed.

Lemma used_put t i n n' dv : t !! i = Some n ->
  used (<[i := n']> t) dv = used t dv - (if dev n =? dv then bytes_of n else 0) + (if dev n' =? dv then bytes_of n' else 0).
Proof. intros H. unfold used. by rewrite (map_sum_update _ t i n n' H). Qed.

Lemma dirb_put t i n n' j : t !! i = Some n -> is_dir_inode n' = is_dir_inode n -> dirb (<[i := n']> t) j = dirb t j.
Proof.
  intros H E. unfold dirb. destruct (decide (j = i)) as [->|Hne]; [by rewrite lookup_insert_eq, H | by rewrite lookup_insert_ne].
Qed.

Lemma child_put t i n n' d m : t !! i = Some n ->
  child (<[i := n']> t) d m = if decide (d = i) then match kind n' with Dir e => get_name m e | _ => None end else child t d m.
Proof.
  intros H. unfold child. case_decide as Hd; [subst; by rewrite lookup_insert_eq | by rewrite lookup_insert_ne].
Qed.

Lemma subdirs_ext t t' n : (forall j, dirb t' j = dirb t j) -> subdirs t' n = subdirs t n.
Proof. intros H. apply cnt_ext. auto. Qed.

Lemma isd_kind t i : isd t i <-> exists n e, t !! i = Some n /\ kind n = Dir e.
Proof.
  unfold isd, dirb, is_dir_inode. destruct (t !! i) as [n|]; [|split; [done|by intros (? & ? & ? & _)]].
  split; [destruct (kind n) eqn:E; try done; eauto|]. intros (n' & e & E & Hk). injection E as <-. by rewrite Hk.
Qed.

Lemma is_dir_kids n : is_dir_inode n = false -> kids n = [].
Proof. unfold is_dir_inode, kids. by destruct (kind n). Qed.

Lemma links_nonneg t i : 0 <= links t i.
Proof. apply map_sum_nonneg. intros. apply cnt_nonneg. Qed.

Lemma child_kids t d m i : child t d m = Some i -> exists nd, t !! d = Some nd /\ In i (kids nd).
Proof.
  unfold child. destruct (t !! d) as [nd|]; [|done]. destruct (kind nd) as [e| | | |] eqn:E; try done.
  intros [ck H]%get_name_Some. exists nd. split; [done|]. unfold kids. rewrite E. apply in_children. eauto.
Qed.

Lemma links_pos t d m i : child t d m = Some i -> 0 < links t i.
Proof.
  intros (nd & Hd & Hi)%child_kids. apply occ_pos in Hi.
  pose proof (map_sum_le (fun n => occ i (kids n)) t d nd ltac:(intros; apply cnt_nonneg) Hd) as Hle. cbv beta in Hle. unfold links. lia.
Qed.
End Put.

Lemma root_count_pos i rs : In (Some i) rs <-> 0 < root_count i rs.
Proof.
  unfold root_count. induction rs as [|o rs IH]; [done|]. rewrite cnt_cons. pose proof (cnt_nonneg (fun o => bool_decide (o = Some i)) rs).
  cbn. case_bool_decide; [split; [lia|auto]|]. rewrite IH. intuition; done || lia.
Qed.

Section Transitions.
Context {X Y pend os ps : list nat} {t : Tab} {rs : list (option nat)} {bs : list Z}.
Hypothesis F : fs_ok X Y pend os ps t rs bs.

(** An inode changes, its names do not. *)
Lemma fs_put (X' Y' pend' os' ps' : list nat) (bs' : list Z) i n n' : t !! i = Some n ->
  is_dir_inode n' = is_dir_inode n -> (forall e, kind n = Dir e -> kind n' = Dir e) -> dev n' = dev n ->
  (forall j, j <> i -> (~ In j X' -> ~ In j X) /\ (~ In j Y' -> ~ In j Y) /\ occ j pend' = occ j pend /\ occ j os' = occ j os /\ occ j ps' = occ j ps) ->
  (if is_dir_inode n then occ i pend' = occ i pend /\ (~ In i X' -> nlink n' = 2 + subdirs t n) /\ os' = os /\ ps' = ps
   else nlink n' = links t i + occ i pend' /\ (~ In i Y' -> unreferenced n' = false)) ->
  open_count n' = occ i os' -> map_pins n' = occ i ps' ->
  accounts (fun d => used t d - (if dev n =? d then bytes_of n else 0) + (if dev n =? d then bytes_of n' else 0)) bs' ->
  fs_ok X' Y' pend' os' ps' (<[i := n']> t) rs bs'.
Proof.
  intros Hi Hd He Hv Hj Hn Ho Hp Hb.
  assert (kids n' = kids n) as Hk.
  { unfold kids. destruct (is_dir_inode n) eqn:E.
    - unfold is_dir_inode in E. destruct (kind n) as [e| | | |] eqn:E2; try done. by rewrite (He e eq_refl).
    - fold (kids n) (kids n'). by rewrite !is_dir_kids. }
  assert (forall d m, child (<[i := n']> t) d m = child t d m) as Hc.
  { intros d m. rewrite (child_put t i n n') by done. case_decide; [subst d|done]. unfold child. rewrite Hi.
    destruct (kind n) as [e| | | |] eqn:E; [by rewrite (He e eq_refl)|..];
      unfold is_dir_inode in Hd; rewrite E in Hd; by destruct (kind n'). }
  assert (forall j, dirb (<[i := n']> t) j = dirb t j) as Hdb by (intros; by apply (dirb_put t i n)).
  assert (forall j, links (<[i := n']> t) j = links t j) as Hl by (intros j; rewrite (links_put t i n), Hk by done; lia).
  assert (forall j m, <[i := n']> t !! j = Some m -> exists m0, t !! j = Some m0 /\ is_dir_inode m0 = is_dir_inode m
            /\ dev m0 = dev m /\ kids m0 = kids m) as Hsome.
  { intros j m. destruct (decide (j = i)) as [->|Hne]; [rewrite lookup_insert_eq|rewrite lookup_insert_ne by done; eauto].
    intros E. injection E as <-. eauto. }
  assert (forall j, isd t j -> In j pend' <-> In j pend) as Hpend.
  { intros j Hij. rewrite !occ_pos. destruct (decide (j = i)) as [->|Hne]; [|by rewrite (proj1 (proj2 (proj2 (Hj j Hne))))].
    unfold isd, dirb in Hij. rewrite Hi in Hij. rewrite Hij in Hn. by rewrite (proj1 Hn). }
  split.
  - apply (tree_ext (child t) _ (isd t) _ (fun r => In (Some r) rs \/ In r pend)); [apply F|done| |].
    + intros j. unfold isd. by rewrite Hdb.
    + intros j Hij. by rewrite Hpend.
  - intros d m j. rewrite Hc. intros (nd & nj & H1 & H2 & H3 & H4)%(f_child _ _ _ _ _ _ _ _ F).
    assert (forall x nx, t !! x = Some nx -> exists nx', <[i := n']> t !! x = Some nx' /\ dev nx' = dev nx) as Hx.
    { intros x nx Hx. destruct (decide (x = i)) as [->|Hne]; [rewrite lookup_insert_eq|rewrite lookup_insert_ne by done; eauto].
      exists n'. split; [done|]. congruence. }
    destruct (Hx _ _ H1) as (nd' & ? & ?), (Hx _ _ H2) as (nj' & ? & ?). exists nd', nj'. split_and!; auto; try apply H4. congruence.
  - intros m r (nd & mt & H1 & H2 & H3 & H4)%(f_root _ _ _ _ _ _ _ _ F).
    destruct (decide (r = i)) as [->|Hne]; [rewrite lookup_insert_eq; exists n', mt|rewrite lookup_insert_ne by done; by exists nd, mt].
    assert (nd = n) as -> by congruence. split_and!; congruence.
  - intros j Hjp. destruct (decide (j = i)) as [->|Hne]; [by rewrite lookup_insert_eq|rewrite lookup_insert_ne by done].
    apply (f_pend _ _ _ _ _ _ _ _ F). apply occ_pos. rewrite <- (proj1 (proj2 (proj2 (Hj j Hne)))). by apply occ_pos.
  - intros j m e Hm Hke. rewrite Hl. destruct (decide (j = i)) as [->|Hne].
    + rewrite lookup_insert_eq in Hm. injection Hm as <-.
      assert (is_dir_inode n = true) as Hdn by (rewrite <- Hd; unfold is_dir_inode; by rewrite Hke).
      rewrite Hdn in Hn. destruct Hn as (Hn1 & Hn2 & _).
      assert (kind n = Dir e) as Hke'.
      { unfold is_dir_inode in Hdn. destruct (kind n) as [e0| | | |] eqn:E; try done. rewrite (He e0 eq_refl) in Hke. congruence. }
      destruct (f_dir _ _ _ _ _ _ _ _ F i n e Hi Hke') as (G1 & _ & G3). rewrite Hn1. split_and!; auto.
      intros HX. rewrite Hn2 by done. unfold subdirs. rewrite Hk. f_equal. by apply cnt_ext.
    + rewrite lookup_insert_ne in Hm by done. destruct (Hj j Hne) as (J1 & _ & J3 & _).
      destruct (f_dir _ _ _ _ _ _ _ _ F j m e Hm Hke) as (G1 & G2 & G3). rewrite J3. split_and!; auto.
      intros HX. rewrite G2 by auto. f_equal. symmetry. by apply subdirs_ext.
  - intros j m Hm Hdm. rewrite Hl. destruct (decide (j = i)) as [->|Hne].
    + rewrite lookup_insert_eq in Hm. injection Hm as <-. rewrite Hd in Hdm. by rewrite Hdm in Hn.
    + rewrite lookup_insert_ne in Hm by done. destruct (Hj j Hne) as (_ & J2 & J3 & _).
      destruct (f_file _ _ _ _ _ _ _ _ F j m Hm Hdm) as [G1 G2]. rewrite J3. auto.
  - intros j m Hm. destruct (decide (j = i)) as [->|Hne].
    + rewrite lookup_insert_eq in Hm. injection Hm as <-. split_and!; auto. rewrite Hv. by apply (f_refs _ _ _ _ _ _ _ _ F i n).
    + rewrite lookup_insert_ne in Hm by done. destruct (Hj j Hne) as (_ & _ & _ & J4 & J5). rewrite J4, J5.
      by apply (f_refs _ _ _ _ _ _ _ _ F).
  - intros j Hjo. destruct (decide (j = i)) as [->|Hne].
    + rewrite lookup_insert_eq. exists n'. split; [done|]. rewrite Hd. destruct (is_dir_inode n) eqn:E; [|done].
      destruct Hn as (_ & _ & -> & ->). destruct (f_held _ _ _ _ _ _ _ _ F i Hjo) as (n0 & ? & ?). congruence.
    + rewrite lookup_insert_ne by done. destruct (Hj j Hne) as (_ & _ & _ & J4 & J5).
      apply (f_held _ _ _ _ _ _ _ _ F). rewrite !occ_pos in Hjo |- *. lia.
  - eapply accounts_ext; [|exact Hb]. intros d. rewrite (used_put t i n) by done. by rewrite Hv.
  - apply F.
Qed.

(** The entries of one directory change; every name that goes is pending
    afterwards, every name that comes was. *)
Lemma fs_entries (pend' : list nat) p np e e' : t !! p = Some np -> kind np = Dir e -> entries_ok e' ->
  children e' ++ pend' ≡ₚ children e ++ pend ->
  tree (child (<[p := with_kind np (Dir e')]> t)) (isd t) (fun r => In (Some r) rs \/ In r pend') ->
  (forall n i, get_name n e' = Some i -> get_name n e = Some i
     \/ exists ni, t !! i = Some ni /\ dev ni = dev np /\ n <> [] /\ ~ In slash n) ->
  fs_ok (p :: X) Y pend' os ps (<[p := with_kind np (Dir e')]> t) rs bs.
Proof.
  intros Hp He Hok Hperm Htree Hnew. set (np' := with_kind np (Dir e')).
  assert (is_dir_inode np = true) as Hd by (unfold is_dir_inode; by rewrite He).
  assert (forall j, dirb (<[p := np']> t) j = dirb t j) as Hdb by (intros; apply (dirb_put t p np); [done|by rewrite Hd]).
  assert (forall j, links (<[p := np']> t) j + occ j pend' = links t j + occ j pend) as Hl.
  { intros j. rewrite (links_put t p np) by done. assert (occ j (children e' ++ pend') = occ j (children e ++ pend)) as E by by rewrite Hperm.
    unfold occ in E. rewrite !cnt_app in E. unfold kids. cbn [np' kind with_kind]. rewrite He. unfold occ. lia. }
  assert (forall x nx, t !! x = Some nx -> exists nx', <[p := np']> t !! x = Some nx' /\ dev nx' = dev nx
            /\ is_dir_inode nx' = is_dir_inode nx) as Hx.
  { intros x nx Hx. destruct (decide (x = p)) as [->|Hne]; [rewrite lookup_insert_eq|rewrite lookup_insert_ne by done; eauto].
    exists np'. assert (nx = np) as -> by congruence. split_and!; [done..|by rewrite Hd]. }
  split.
  - apply (tree_ext _ _ (isd t) _ _ _ Htree); [done| |done]. intros j. unfold isd. by rewrite Hdb.
  - assert (forall d m j, child t d m = Some j -> exists nd ni, <[p := np']> t !! d = Some nd /\ <[p := np']> t !! j = Some ni
        /\ dev ni = dev nd /\ m <> [] /\ ~ In slash m) as Hold.
    { intros d m j (nd & nj & H1 & H2 & H3 & H4)%(f_child _ _ _ _ _ _ _ _ F).
      destruct (Hx _ _ H1) as (nd' & ? & ? & _), (Hx _ _ H2) as (nj' & ? & ? & _). exists nd', nj'.
      split_and!; auto; try apply H4. congruence. }
    intros d m j. rewrite (child_put t p np) by done. case_decide as Hdp; [subst d|apply Hold].
    cbn [np' kind with_kind]. intros [E|(ni & H1 & H2 & H3)]%Hnew.
    + apply Hold. unfold child. by rewrite Hp, He.
    + destruct (Hx _ _ H1) as (ni' & ? & ? & _). exists np', ni'. rewrite lookup_insert_eq.
      split_and!; auto; try apply H3. cbn [np' dev with_kind]. congruence.
  - intros m r (nd & mt & H1 & H2 & H3 & H4)%(f_root _ _ _ _ _ _ _ _ F).
    destruct (Hx _ _ H1) as (nd' & E1 & E2 & E3). exists nd', mt. split_and!; congruence.
  - intros j Hj. assert (is_Some (t !! j)) as [nj Hnj].
    { assert (In j (children e ++ pend)) as [Hj'|Hj']%in_app_or by (rewrite <- Hperm; apply in_or_app; auto).
      - apply in_children in Hj' as (m & ck & Hm).
        destruct (f_child _ _ _ _ _ _ _ _ F p m j) as (nd & nj & _ & ? & _); [|eauto].
        unfold child. rewrite Hp, He. apply get_name_Some. eauto.
      - by apply (f_pend _ _ _ _ _ _ _ _ F). }
    destruct (Hx _ _ Hnj) as (nj' & ? & _). eauto.
  - intros j m e0 Hm Hke. pose proof (Hl j). destruct (decide (j = p)) as [->|Hne].
    + rewrite lookup_insert_eq in Hm. injection Hm as <-. cbn [np' kind with_kind] in Hke. injection Hke as <-.
      destruct (f_dir _ _ _ _ _ _ _ _ F p np e Hp He) as (_ & _ & G3). split_and!; [done|intros []; by left|lia].
    + rewrite lookup_insert_ne in Hm by done.
      destruct (f_dir _ _ _ _ _ _ _ _ F j m e0 Hm Hke) as (G1 & G2 & G3). split_and!; [done| |lia].
      intros HX. rewrite G2 by (intros ?; apply HX; by right). f_equal. symmetry. by apply subdirs_ext.
  - intros j m Hm Hdm. destruct (decide (j = p)) as [->|Hne].
    + rewrite lookup_insert_eq in Hm. injection Hm as <-. done.
    + rewrite lookup_insert_ne in Hm by done. destruct (f_file _ _ _ _ _ _ _ _ F j m Hm Hdm) as [G1 G2].
      split; [|done]. pose proof (Hl j). lia.
  - intros j m Hm. destruct (decide (j = p)) as [->|Hne].
    + rewrite lookup_insert_eq in Hm. injection Hm as <-. apply (f_refs _ _ _ _ _ _ _ _ F p np Hp).
    + rewrite lookup_insert_ne in Hm by done. by apply (f_refs _ _ _ _ _ _ _ _ F).
  - intros j (n & H1 & H2)%(f_held _ _ _ _ _ _ _ _ F). destruct (Hx _ _ H1) as (n' & ? & _ & E). exists n'. split; congruence.
  - eapply accounts_ext; [|apply (f_bytes _ _ _ _ _ _ _ _ F)]. intros d. rewrite (used_put t p np) by done.
    cbn [np' dev with_kind]. unfold bytes_of. cbn [np' kind with_kind xattrs]. rewrite He. lia.
  - apply F.
Qed.

(** A new inode, not named yet. *)
Lemma fs_new i n : t !! i = None -> nlink n = (if is_dir_inode n then 2 else 1) -> kids n = [] ->
  (forall e, kind n = Dir e -> e = new_entries) -> open_count n = 0 -> map_pins n = 0 -> bytes_of n = 0 ->
  is_Some (mount_of_dev (dev n)) -> fs_ok X Y (i :: pend) os ps (<[i := n]> t) rs bs.
Proof.
  intros Hi Hl Hk He Ho Hp Hb Hv.
  assert (forall d m, child t d m <> Some i) as Hno.
  { intros d m (nd & ni & _ & H & _)%(f_child _ _ _ _ _ _ _ _ F). congruence. }
  assert (forall d m, child (<[i := n]> t) d m = child t d m) as Hc.
  { intros d m. unfold child. destruct (decide (d = i)) as [->|Hne]; [rewrite lookup_insert_eq, Hi|by rewrite lookup_insert_ne].
    destruct (kind n) as [e| | | |] eqn:E; try done. rewrite (He e eq_refl). unfold get_name. cbn. by rewrite lookup_empty. }
  assert (forall j, j <> i -> dirb (<[i := n]> t) j = dirb t j) as Hdb by (intros j Hj; unfold dirb; by rewrite lookup_insert_ne).
  assert (forall j, links (<[i := n]> t) j = links t j) as Hlk.
  { intros j. unfold links. rewrite map_sum_insert by done. cbv beta. rewrite Hk. unfold occ. rewrite cnt_nil. lia. }
  assert (links t i = 0) as Hli.
  { unfold links. assert (forall t0 : Tab, (forall d nd, t0 !! d = Some nd -> ~ In i (kids nd)) -> map_sum (fun n => occ i (kids n)) t0 = 0) as G.
    { intros t0. induction t0 as [|d nd t0 Hd IH] using map_ind; intros H; [by rewrite map_sum_empty|].
      rewrite map_sum_insert, occ_zero, IH by (first [done | apply (H d), lookup_insert_eq |
        intros d' nd' H'; apply (H d'); rewrite lookup_insert_ne by congruence; done]). lia. }
    apply G. intros d nd Hd Hin. unfold kids in Hin. destruct (kind nd) as [e| | | |] eqn:E; try done.
    apply in_children in Hin as (m & ck & Hm). apply (Hno d m). unfold child. rewrite Hd, E. apply get_name_Some. eauto. }
  assert (forall l, (forall j, In j l -> is_Some (t !! j)) -> occ i l = 0) as Hocc.
  { intros l H. apply occ_zero. intros [x Hx]%H. congruence. }
  assert (root_count i rs = 0) as Hrc.
  { pose proof (cnt_nonneg (fun o => bool_decide (o = Some i)) rs). unfold root_count.
    destruct (decide (0 < root_count i rs)) as [Hr|]; [|unfold root_count in *; lia]. exfalso.
    apply root_count_pos, list_elem_of_In, list_elem_of_lookup in Hr as [m Hm].
    apply (f_root _ _ _ _ _ _ _ _ F) in Hm as (nd & mt & H1 & _). congruence. }
  split.
  - apply (tree_ext (child t) _ (isd (<[i := n]> t)) _ (fun r => In (Some r) rs \/ In r (i :: pend))); [|done..].
    apply (tree_add (f_tree _ _ _ _ _ _ _ _ F) _ _ i); [done| |].
    + intros j. unfold isd. destruct (decide (j = i)) as [->|Hne]; [|by rewrite Hdb; naive_solver].
      split; [auto|]. intros [H|[_ H]]; [|done]. unfold dirb in H. by rewrite Hi in H.
    + intros r _. cbn. intuition.
  - intros d m j. rewrite Hc. intros (nd & nj & H1 & H2 & H3)%(f_child _ _ _ _ _ _ _ _ F). exists nd, nj.
    rewrite !lookup_insert_ne by congruence. done.
  - intros m r (nd & mt & H1 & H2)%(f_root _ _ _ _ _ _ _ _ F). exists nd, mt. rewrite lookup_insert_ne by congruence. done.
  - intros j [<-|Hj]; [by rewrite lookup_insert_eq|]. apply (f_pend _ _ _ _ _ _ _ _ F) in Hj as [x Hx].
    rewrite lookup_insert_ne by congruence. eauto.
  - intros j m e Hm Hke. rewrite Hlk, occ_cons. destruct (decide (j = i)) as [->|Hne].
    + rewrite lookup_insert_eq in Hm. injection Hm as <-. rewrite (He e Hke). split_and!; [auto with kandelo| |].
      * intros _. rewrite Hl. unfold subdirs. rewrite Hk. unfold is_dir_inode. rewrite Hke. done.
      * rewrite Hli, Hrc, Hocc by apply F. lia.
    + rewrite lookup_insert_ne in Hm by done. destruct (f_dir _ _ _ _ _ _ _ _ F j m e Hm Hke) as (G1 & G2 & G3).
      split_and!; [done| |lia]. intros HX. rewrite G2 by done. f_equal. apply cnt_ext. intros c Hin. symmetry. apply Hdb.
      intros ->. unfold kids in Hin. rewrite Hke in Hin. apply in_children in Hin as (x & ck & Hx). apply (Hno j x).
      unfold child. rewrite Hm, Hke. apply get_name_Some. eauto.
  - intros j m Hm Hdm. rewrite Hlk, occ_cons. destruct (decide (j = i)) as [->|Hne].
    + rewrite lookup_insert_eq in Hm. injection Hm as <-. rewrite Hl, Hli, Hdm, Hocc by apply F. split; [lia|].
      intros _. unfold unreferenced. by rewrite Hl, Hdm.
    + rewrite lookup_insert_ne in Hm by done. destruct (f_file _ _ _ _ _ _ _ _ F j m Hm Hdm) as [G1 G2]. split; [lia|done].
  - intros j m Hm. destruct (decide (j = i)) as [->|Hne].
    + rewrite lookup_insert_eq in Hm. injection Hm as <-.
      rewrite Ho, Hp, !Hocc; [done|..]; intros j Hj; destruct (f_held _ _ _ _ _ _ _ _ F j) as (x & ? & _); eauto.
    + rewrite lookup_insert_ne in Hm by done. by apply (f_refs _ _ _ _ _ _ _ _ F).
  - intros j (m & H1 & H2)%(f_held _ _ _ _ _ _ _ _ F). exists m. rewrite lookup_insert_ne by congruence. done.
  - eapply accounts_ext; [|apply (f_bytes _ _ _ _ _ _ _ _ F)]. intros d. unfold used. rewrite map_sum_insert, Hb by done.
    destruct (dev n =? d); lia.
  - apply F.
Qed.

(** An inode goes that nothing names any more: a file, or an empty directory
    whose last name is pending. *)
Lemma fs_delete (Y' pend' : list nat) (bs' : list Z) i n : t !! i = Some n -> kids n = [] -> links t i = 0 ->
  (if is_dir_inode n then pend = i :: pend' /\ ~ In (Some i) rs else pend' = pend /\ ~ In i pend) -> ~ In i os -> ~ In i ps ->
  (forall j, j <> i -> ~ In j Y' -> ~ In j Y) ->
  accounts (fun d => used t d - (if dev n =? d then bytes_of n else 0)) bs' ->
  fs_ok X Y' pend' os ps (delete i t) rs bs'.
Proof.
  intros Hi Hk Hl Hpend Ho Hp HY Hb.
  assert (forall d m, child t d m <> Some i) as Hno by (intros d m H%links_pos; lia).
  assert (forall d m, child (delete i t) d m = child t d m) as Hc.
  { intros d m. unfold child. destruct (decide (d = i)) as [->|Hne]; [rewrite lookup_delete_eq, Hi|by rewrite lookup_delete_ne].
    destruct (kind n) as [e| | | |] eqn:E; try done. destruct (get_name m e) as [x|] eqn:Ex; [|done].
    exfalso. apply get_name_Some in Ex as [ck Hck]. assert (In x (kids n)) as Hx; [|by rewrite Hk in Hx].
    unfold kids. rewrite E. apply in_children. eauto. }
  assert (forall j, j <> i -> dirb (delete i t) j = dirb t j) as Hdb by (intros j Hj; unfold dirb; by rewrite lookup_delete_ne).
  assert (dirb (delete i t) i = false) as Hdi by (unfold dirb; by rewrite lookup_delete_eq).
  assert (forall j, links (delete i t) j = links t j) as Hlk.
  { intros j. unfold links. rewrite (map_sum_delete _ t i n Hi). cbv beta. rewrite Hk. unfold occ. rewrite cnt_nil. lia. }
  assert (forall j m, delete i t !! j = Some m -> j <> i /\ t !! j = Some m) as Hs.
  { intros j m [? ?]%lookup_delete_Some. auto. }
  assert (forall j, In j pend' -> In j pend) as Hsub.
  { intros j. destruct (is_dir_inode n); destruct Hpend as [-> _]; [by right|done]. }
  assert (forall j, j <> i -> occ j pend' = occ j pend) as Hocc.
  { intros j Hj. destruct (is_dir_inode n); destruct Hpend as [-> _]; [|done]. rewrite occ_cons, decide_False by done. lia. }
  assert (~ In i pend') as Hnp.
  { destruct (is_dir_inode n) eqn:E; destruct Hpend as [E1 E2]; [|by rewrite E1]. unfold is_dir_inode in E.
    destruct (kind n) as [e| | | |] eqn:Ek; try done. destruct (f_dir _ _ _ _ _ _ _ _ F i n e Hi Ek) as (_ & _ & G3).
    rewrite E1, occ_cons, decide_True in G3 by done. rewrite occ_pos. pose proof (links_nonneg t i).
    pose proof (cnt_nonneg (fun o => bool_decide (o = Some i)) rs). unfold root_count in G3. lia. }
  assert (forall j, j <> i -> In j pend' <-> In j pend) as Hin by (intros j Hj; rewrite !occ_pos, Hocc; done).
  split.
  - apply (tree_ext (child t) _ (isd (delete i t)) _ (fun r => In (Some r) rs \/ In r pend')); [|done..].
    destruct (is_dir_inode n) eqn:E.
    + apply (tree_discard (f_tree _ _ _ _ _ _ _ _ F) _ _ i).
      * destruct Hpend as [-> _]. right. by left.
      * intros m. destruct (child t i m) as [x|] eqn:Ex; [|done]. apply child_kids in Ex as (nd & Hnd & Hx).
        assert (nd = n) as -> by congruence. by rewrite Hk in Hx.
      * intros j. unfold isd. destruct (decide (j = i)) as [->|Hne]; [rewrite Hdi; naive_solver | rewrite Hdb by done; naive_solver].
      * intros r Hr. rewrite Hin; [done|]. intros ->. unfold isd in Hr. congruence.
    + apply (tree_ext (child t) _ (isd t) _ (fun r => In (Some r) rs \/ In r pend)); [apply F|done| |].
      * intros j. unfold isd. destruct (decide (j = i)) as [->|Hne]; [|by rewrite Hdb].
        rewrite Hdi. unfold dirb. by rewrite Hi, E.
      * intros r Hr. destruct Hpend as [-> _]. done.
  - intros d m j. rewrite Hc. intros Hj. destruct (f_child _ _ _ _ _ _ _ _ F d m j Hj) as (nd & nj & H1 & H2 & H3). exists nd, nj.
    rewrite !lookup_delete_ne; [done| |].
    + intros <-. by apply (Hno d m).
    + intros <-. apply child_kids in Hj as (nd' & Hnd & Hx). assert (nd' = n) as -> by congruence. by rewrite Hk in Hx.
  - intros m r Hr. destruct (f_root _ _ _ _ _ _ _ _ F m r Hr) as (nd & mt & H1 & H2 & H3). exists nd, mt.
    rewrite lookup_delete_ne; [done|]. intros <-. assert (nd = n) as -> by congruence. rewrite H2 in Hpend.
    apply (proj2 Hpend). apply list_elem_of_In, list_elem_of_lookup. eauto.
  - intros j Hj. destruct (f_pend _ _ _ _ _ _ _ _ F j (Hsub j Hj)) as [x Hx]. rewrite lookup_delete_ne; [eauto|]. by intros <-.
  - intros j m e [Hne Hm]%Hs Hke. rewrite Hlk, Hocc by done. destruct (f_dir _ _ _ _ _ _ _ _ F j m e Hm Hke) as (G1 & G2 & G3).
    split_and!; [done| |done]. intros HX. rewrite G2 by done. f_equal. apply cnt_ext. intros c Hin'. symmetry. apply Hdb.
    intros ->. unfold kids in Hin'. rewrite Hke in Hin'. apply in_children in Hin' as (x & ck & Hx). apply (Hno j x).
    unfold child. rewrite Hm, Hke. apply get_name_Some. eauto.
  - intros j m [Hne Hm]%Hs Hdm. rewrite Hlk, Hocc by done. destruct (f_file _ _ _ _ _ _ _ _ F j m Hm Hdm) as [G1 G2].
    split; [done|]. auto.
  - intros j m [Hne Hm]%Hs. by apply (f_refs _ _ _ _ _ _ _ _ F).
  - intros j Hj. destruct (f_held _ _ _ _ _ _ _ _ F j Hj) as (m & H1 & H2). exists m. rewrite lookup_delete_ne; [done|].
    intros <-. tauto.
  - eapply accounts_ext; [|exact Hb]. intros d. unfold used. rewrite (map_sum_delete _ t i n Hi). done.
  - apply F.
Qed.

(** A pending directory becomes the root of a mount. *)
Lemma fs_mount (pend' : list nat) m mt r n : pend = r :: pend' -> rs !! m = Some None -> SCRATCH_MOUNTS !! m = Some mt ->
  t !! r = Some n -> is_dir_inode n = true -> dev n = m_dev mt -> fs_ok X Y pend' os ps t (<[m := Some r]> rs) bs.
Proof.
  intros Ep Hm Hmt Hr Hd Hv.
  assert (m < length rs)%nat as Hlt by (by apply lookup_lt_Some in Hm).
  assert (rs = take m rs ++ None :: drop (S m) rs) as Hsplit by (symmetry; by apply take_drop_middle).
  assert (<[m := Some r]> rs = take m rs ++ Some r :: drop (S m) rs) as Hins by (by rewrite insert_take_drop).
  assert (forall j, root_count j (<[m := Some r]> rs) = root_count j rs + if decide (j = r) then 1 else 0) as Hrc.
  { intros j. rewrite Hins. rewrite Hsplit at 3. unfold root_count. rewrite !cnt_app, !cnt_cons.
    case_bool_decide as H1; case_decide as H2; case_bool_decide as H3; try congruence; lia. }
  assert (forall j, In (Some j) (<[m := Some r]> rs) <-> In (Some j) rs \/ j = r) as Hin.
  { intros j. rewrite !root_count_pos, Hrc. pose proof (cnt_nonneg (fun o => bool_decide (o = Some j)) rs) as H0.
    fold (root_count j rs) in H0. case_decide; [split; [auto|lia] | split; [left; lia | intros [?|?]; [lia|done]]]. }
  split; try apply F.
  - apply (tree_ext _ _ _ _ _ _ (f_tree _ _ _ _ _ _ _ _ F)); [done..|]. intros j _. rewrite Hin, Ep. cbn. intuition.
  - intros m' r'. destruct (decide (m' = m)) as [->|Hne].
    + rewrite list_lookup_insert_eq by done. intros E. injection E as <-. by exists n, mt.
    + rewrite list_lookup_insert_ne by done. apply F.
  - intros j Hj. apply (f_pend _ _ _ _ _ _ _ _ F). rewrite Ep. by right.
  - intros j x e Hx Hk. destruct (f_dir _ _ _ _ _ _ _ _ F j x e Hx Hk) as (G1 & G2 & G3). split_and!; [done..|].
    rewrite Hrc. rewrite Ep, occ_cons in G3. lia.
  - intros j x Hx Hdx. destruct (f_file _ _ _ _ _ _ _ _ F j x Hx Hdx) as (G1 & G2). split; [|done].
    rewrite Ep, occ_cons, decide_False in G1 by congruence. lia.
  - rewrite length_insert. apply F.
Qed.

Lemma fs_fix p n : t !! p = Some n -> is_dir_inode n = true -> nlink n = 2 + subdirs t n ->
  forall X', X = p :: X' -> fs_ok X' Y pend os ps t rs bs.
Proof.
  intros Hp Hd Hn X' ->. split; try apply F. intros i m e Hm Hk.
  destruct (f_dir _ _ _ _ _ _ _ _ F i m e Hm Hk) as (G1 & G2 & G3). split_and!; [done| |done]. intros HX.
  destruct (decide (i = p)) as [->|Hne]; [congruence|]. apply G2. cbn. intuition.
Qed.
Lemma fs_live Y' : (forall i n, t !! i = Some n -> In i Y -> ~ In i Y' -> unreferenced n = false) -> fs_ok X Y' pend os ps t rs bs.
Proof.
  intros H. split; try apply F. intros i n Hi Hd. destruct (f_file _ _ _ _ _ _ _ _ F i n Hi Hd) as (G1 & G2). split; [done|].
  intros HY. destruct (in_dec Nat.eq_dec i Y) as [HiY|]; [by apply (H i)|by apply G2].
Qed.
Lemma fs_weaken X' : (forall i, In i X -> In i X') -> fs_ok X' Y pend os ps t rs bs.
Proof.
  intros H. split; try apply F. intros i m e Hm Hk. destruct (f_dir _ _ _ _ _ _ _ _ F i m e Hm Hk) as (G1 & G2 & G3). split_and!; auto.
Qed.
End Transitions.
