(* ===== verification/TmpfsSteps.v ===== *)
(** * The steps of the in-memory file system

    The slab of inodes as a finite map, and what each helper of Tmpfs.v does
    to the invariant of TmpfsInv.v. *)

From S2P Require Import Prelude Path NameTree Tmpfs TmpfsInv.
From Stdlib Require Import Permutation.

Create HintDb tmpfs.

(** The live inodes. *)
Definition tab (s : TmpfsState) : Tab := omap (fun o => o) (map_seq 0 (inodes s)).

(** The free list names exactly the empty slots. *)
Definition slab_ok (s : TmpfsState) : Prop :=
  NoDup (free_inodes s) /\ (forall i, i ∈ free_inodes s <-> inodes s !! i = Some None) /\ lenZ (inodes s) <= SLAB_MAX.

Definition holds (X Y pend os ps : list nat) (s : TmpfsState) : Prop :=
  slab_ok s /\ fs_ok X Y pend os ps (tab s) (mount_roots s) (mount_bytes s) /\ length (byte_limits s) = length SCRATCH_MOUNTS.
Abbreviation good os ps s := (holds [] [] [] os ps s).

Section Slab.
Implicit Types s : TmpfsState.

Lemma tab_get s i : tab s !! i = get s i.
Proof.
  unfold tab, get. rewrite lookup_omap, lookup_map_seq_0. by destruct (inodes s !! i) as [[n|]|].
Qed.

Lemma get_lt s i n : get s i = Some n -> inodes s !! i = Some (Some n).
Proof. unfold get. by destruct (inodes s !! i) as [[m|]|]; intros E; inversion E; subst. Qed.

Lemma tab_put s i n n' : tab s !! i = Some n -> tab (put s i n') = <[i := n']> (tab s).
Proof.
  rewrite tab_get. intros H%get_lt. apply map_eq. intros j. rewrite tab_get. unfold get. cbn.
  destruct (decide (j = i)) as [->|Hne].
  - rewrite list_lookup_insert_eq by by apply lookup_lt_Some in H. by rewrite lookup_insert_eq.
  - rewrite list_lookup_insert_ne, lookup_insert_ne by done. by rewrite tab_get.
Qed.

Lemma slab_put s i n n' : slab_ok s -> get s i = Some n -> slab_ok (put s i n').
Proof.
  intros (H1 & H2 & H3) H%get_lt. split; [done|]. split; cbn; [|by rewrite length_insert].
  intros j. rewrite H2. destruct (decide (j = i)) as [->|Hne]; [|by rewrite list_lookup_insert_ne].
  rewrite list_lookup_insert_eq by by apply lookup_lt_Some in H. rewrite H. by split.
Qed.

Lemma modify_put s i f n : tab s !! i = Some n -> modify i f s = put s i (f n).
Proof. rewrite tab_get. unfold modify. by intros ->. Qed.

(** A new slot: the top of the free list or the end of the vector. *)
Lemma insert_inode_spec s n : slab_ok s ->
  wp (insert_inode n) s (free_inodes s = [] /\ lenZ (inodes s) = SLAB_MAX)
    (fun s' r => exists i, r = Ok i /\ slab_ok s' /\ tab s !! i = None /\ tab s' = <[i := n]> (tab s)
       /\ s' = set_inodes s (inodes s') (free_inodes s')).
Proof.
  intros (H1 & H2 & H3). unfold wp, insert_inode. destruct (free_inodes s) as [|i free] eqn:Ef.
  - destruct (Z.ltb_spec (lenZ (inodes s)) SLAB_MAX) as [Hlt|Hge]; [|split; [done|lia]].
    exists (length (inodes s)). split; [done|]. split; [|split; [|split; [|done]]].
    + split; [constructor|]. split; cbn.
      * intros i. split; [intros Hi; by apply not_elem_of_nil in Hi|]. intros Hi. exfalso.
        assert (inodes s !! i = Some None) as E; [|apply H2 in E; by apply not_elem_of_nil in E].
        apply lookup_app_Some in Hi as [Hi|[Hle Hi]]; [done|].
        destruct (i - length (inodes s))%nat as [|k]; cbn in Hi; [done|]. by destruct k.
      * rewrite length_app. cbn. lia.
    + rewrite tab_get. unfold get. by rewrite lookup_ge_None_2.
    + apply map_eq. intros j. rewrite tab_get. unfold get. cbn. destruct (decide (j = length (inodes s))) as [->|Hne].
      * rewrite lookup_insert_eq, lookup_app_r, Nat.sub_diag by done. done.
      * rewrite lookup_insert_ne by done. rewrite tab_get. unfold get. destruct (decide (j < length (inodes s))%nat).
        -- by rewrite lookup_app_l.
        -- rewrite (lookup_ge_None_2 (inodes s)) by lia. rewrite lookup_ge_None_2; [done|]. rewrite length_app. cbn. lia.
  - assert (inodes s !! i = Some None) as Hi by (apply H2; by left).
    assert (i < length (inodes s))%nat as Hlt by by apply lookup_lt_Some in Hi.
    rewrite (proj2 (Nat.ltb_lt _ _)) by done. exists i. split; [done|].
    apply NoDup_cons in H1 as [H1a H1b]. split; [|split; [|split; [|done]]].
    + split; [done|]. split; cbn; [|by rewrite length_insert]. intros j.
      destruct (decide (j = i)) as [->|Hne].
      * rewrite list_lookup_insert_eq by done. by split.
      * rewrite list_lookup_insert_ne by done. rewrite <- H2, elem_of_cons. naive_solver.
    + rewrite tab_get. unfold get. by rewrite Hi.
    + apply map_eq. intros j. rewrite tab_get. unfold get. cbn. destruct (decide (j = i)) as [->|Hne].
      * by rewrite list_lookup_insert_eq, lookup_insert_eq.
      * rewrite list_lookup_insert_ne, lookup_insert_ne by done. by rewrite tab_get.
Qed.

Lemma slab_free s i n : slab_ok s -> get s i = Some n ->
  let s' := set_inodes s (<[i := None]> (inodes s)) (i :: free_inodes s) in slab_ok s' /\ tab s' = delete i (tab s).
Proof.
  intros (H1 & H2 & H3) H%get_lt. assert (i < length (inodes s))%nat as Hlt by by apply lookup_lt_Some in H. split.
  - split; [|split]; cbn; [|..|by rewrite length_insert].
    + constructor; [|done]. rewrite H2, H. done.
    + intros j. rewrite elem_of_cons, H2. destruct (decide (j = i)) as [->|Hne].
      * rewrite list_lookup_insert_eq by done. naive_solver.
      * rewrite list_lookup_insert_ne by done. naive_solver.
  - apply map_eq. intros j. rewrite tab_get. unfold get. cbn. destruct (decide (j = i)) as [->|Hne].
    + by rewrite list_lookup_insert_eq, lookup_delete_eq.
    + rewrite list_lookup_insert_ne, lookup_delete_ne by done. by rewrite tab_get.
Qed.
End Slab.

(** ** Byte accounts *)

Lemma mount_of_dev_lookup dv m : mount_of_dev dv = Some m ->
  exists mt, SCRATCH_MOUNTS !! m = Some mt /\ m_dev mt = dv.
Proof.
  unfold mount_of_dev. intros (x & H1 & H2 & _)%position_Some. exists x. split; [done|]. by apply Z.eqb_eq.
Qed.

Lemma mount_dev_unique m m' mt mt' : SCRATCH_MOUNTS !! m = Some mt -> SCRATCH_MOUNTS !! m' = Some mt' ->
  m_dev mt = m_dev mt' -> m = m'.
Proof.
  intros H H'. do 4 (destruct m as [|m]; [do 4 (destruct m' as [|m']; [injection H as <-; injection H' as <-; done|]); done|]). done.
Qed.

Lemma insert_account (f : Z -> Z) m mt v : SCRATCH_MOUNTS !! m = Some mt ->
  <[m := v]> (map (fun x => f (m_dev x)) SCRATCH_MOUNTS)
  = map (fun x => if m_dev mt =? m_dev x then v else f (m_dev x)) SCRATCH_MOUNTS.
Proof.
  intros Hm. apply list_eq. intros j. destruct (decide (j = m)) as [->|Hne].
  - rewrite list_lookup_insert_eq by (rewrite length_map; by apply lookup_lt_Some in Hm).
    rewrite list_lookup_fmap, Hm. cbn. by rewrite Z.eqb_refl.
  - rewrite list_lookup_insert_ne by done. rewrite !list_lookup_fmap. destruct (SCRATCH_MOUNTS !! j) as [mt'|] eqn:Hj; [|done].
    cbn. destruct (Z.eqb_spec (m_dev mt) (m_dev mt')) as [E|]; [|done]. by destruct Hne; apply (mount_dev_unique j m mt' mt).
Qed.

Section Accounts.
Context (s : TmpfsState) (f : Z -> Z) (dv : Z).
Hypothesis Hb : mount_bytes s = map (fun m => f (m_dev m)) SCRATCH_MOUNTS.
Hypothesis Hdv : is_Some (mount_of_dev dv).

Lemma account_at m mt : SCRATCH_MOUNTS !! m = Some mt -> mount_bytes s !! m = Some (f (m_dev mt)).
Proof. intros Hm. rewrite Hb, list_lookup_fmap, Hm. done. Qed.

Lemma credit_spec b : b <= f dv ->
  credit dv b s = Some (set_mount_bytes s (map (fun m => f (m_dev m) - if dv =? m_dev m then b else 0) SCRATCH_MOUNTS), Ok tt).
Proof.
  intros Hle. destruct Hdv as [m Hm]. unfold credit. rewrite Hm. destruct (mount_of_dev_lookup dv m Hm) as (mt & Hmt & Ed).
  unfold op_bind, op_some, op_modify. rewrite (account_at m mt Hmt), Hb.
  rewrite (insert_account f m mt) by done. do 3 f_equal. apply map_ext. intros x. rewrite Ed.
  destruct (Z.eqb_spec dv (m_dev x)) as [<-|]; [|lia]. unfold saturating_sub. lia.
Qed.

(** Room for the bytes, or ENOSPC and no change. *)
Lemma charge_spec b : length (byte_limits s) = length SCRATCH_MOUNTS ->
  charge dv b s = Some (set_mount_bytes s (map (fun m => f (m_dev m) + if dv =? m_dev m then b else 0) SCRATCH_MOUNTS), Ok tt)
  \/ charge dv b s = Some (s, Err ENOSPC).
Proof.
  intros Hlen. destruct Hdv as [m Hm]. unfold charge. rewrite Hm. destruct (mount_of_dev_lookup dv m Hm) as (mt & Hmt & Ed).
  unfold op_bind, op_some, op_modify, op_lift. rewrite (account_at m mt Hmt), Ed. unfold checked_add.
  destruct (_ <=? u64_max); cbn [ok_or]; [|auto].
  assert (is_Some (byte_limits s !! m)) as [l ->] by (apply lookup_lt_is_Some; rewrite Hlen; by apply lookup_lt_Some in Hmt).
  destruct (match l with Some limit => limit <? f dv + b | None => false end); [by right|left].
  rewrite Hb, (insert_account f m mt) by done. do 3 f_equal. apply map_ext. intros x. rewrite Ed.
  destruct (Z.eqb_spec dv (m_dev x)) as [<-|]; lia.
Qed.
End Accounts.

Lemma xattr_bytes_nonneg x : 0 <= xattr_bytes x.
Proof.
  unfold xattr_bytes. induction x as [|k v m Hk IH] using map_ind; [by rewrite map_fold_empty|].
  rewrite map_fold_insert_L; [lia|intros; lia|done].
Qed.
Lemma bytes_of_nonneg n : 0 <= bytes_of n.
Proof. unfold bytes_of. pose proof (xattr_bytes_nonneg (xattrs n)). destruct (kind n); lia. Qed.

Lemma bytes_le_used (t : Tab) i n : t !! i = Some n -> bytes_of n <= used t (dev n).
Proof.
  intros H. pose proof (map_sum_le (fun m => if dev m =? dev n then bytes_of m else 0) t i n) as Hle. cbv beta in Hle.
  rewrite Z.eqb_refl in Hle. apply Hle; [|done]. intros k x _. pose proof (bytes_of_nonneg x). destruct (_ =? _); lia.
Qed.
#[global] Hint Resolve xattr_bytes_nonneg bytes_of_nonneg : tmpfs.

(** ** Freeing *)

Lemma maybe_free_keep s i n : tab s !! i = Some n -> unreferenced n = false -> maybe_free i s = Some (s, Ok tt).
Proof. rewrite tab_get. unfold maybe_free. by intros -> ->. Qed.

(** Only inodes, accounts and notes of freed sources change. *)
Definition frees (s s' : TmpfsState) : Prop :=
  mount_roots s' = mount_roots s /\ byte_limits s' = byte_limits s /\ dir_iters s' = dir_iters s
  /\ next_ino s' = next_ino s /\ now s' = now s.
Lemma frees_refl s : frees s s.
Proof. done. Qed.
Lemma frees_trans s1 s2 s3 : frees s1 s2 -> frees s2 s3 -> frees s1 s3.
Proof. unfold frees. intros (?&?&?&?&?) (?&?&?&?&?). split_and!; congruence. Qed.
#[global] Hint Resolve frees_refl : tmpfs.

Lemma maybe_free_delete s i n extra : slab_ok s -> tab s !! i = Some n -> unreferenced n = true ->
  is_Some (mount_of_dev (dev n)) ->
  (forall d, 0 <= extra d) -> mount_bytes s = map (fun m => used (tab s) (m_dev m) + extra (m_dev m)) SCRATCH_MOUNTS ->
  exists s', maybe_free i s = Some (s', Ok tt) /\ slab_ok s' /\ tab s' = delete i (tab s) /\ frees s s'
    /\ mount_bytes s' = map (fun m => used (tab s) (m_dev m) - (if dev n =? m_dev m then bytes_of n else 0) + extra (m_dev m)) SCRATCH_MOUNTS.
Proof.
  intros Hs Hi Hu Hv Hx Hb. set (u := fun d => used (tab s) d + extra d).
  assert (bytes_of n <= u (dev n)) as Hle by (pose proof (bytes_le_used (tab s) i n Hi); pose proof (Hx (dev n)); unfold u; lia).
  rewrite tab_get in Hi. unfold maybe_free. rewrite Hi, Hu.
  set (s1 := match kind n with
             | HostBacked source _ => push_event (set_released s (released_sources s ++ [source])) ExchangePending
             | _ => s end).
  assert (mount_bytes s1 = mount_bytes s /\ inodes s1 = inodes s /\ free_inodes s1 = free_inodes s /\ frees s s1) as (E1 & E2 & E3 & E4).
  { unfold s1. by destruct (kind n). }
  set (b := match kind n with Regular data => lenZ data | _ => 0 end).
  set (s2 := set_mount_bytes s1 (map (fun m => u (m_dev m) - if dev n =? m_dev m then b else 0) SCRATCH_MOUNTS)).
  assert (exists s2', (match kind n with Regular data => credit (dev n) (lenZ data) | _ => op_ret tt end) s1 = Some (s2', Ok tt)
            /\ mount_bytes s2' = mount_bytes s2 /\ inodes s2' = inodes s /\ free_inodes s2' = free_inodes s /\ frees s s2') as (s2' & C1 & C2 & C3 & C4 & C5).
  { assert (b = 0 -> mount_bytes s1 = mount_bytes s2) as Hz.
    { intros Hz. unfold s2. cbn. rewrite E1, Hb, Hz. apply map_ext. intros m. unfold u. destruct (_ =? _); lia. }
    destruct (kind n) as [e|data|target|bits|source size] eqn:Ek; try (exists s1; by split_and!; try apply Hz).
    exists s2. rewrite (credit_spec s1 u (dev n)); [|by rewrite E1|done|].
    - by split_and!.
    - unfold bytes_of in Hle. rewrite Ek in Hle. pose proof (xattr_bytes_nonneg (xattrs n)). lia. }
  set (s3 := set_mount_bytes s2' (map (fun m => (fun d => u d - if dev n =? d then b else 0) (m_dev m)
                - if dev n =? m_dev m then xattr_bytes (xattrs n) else 0) SCRATCH_MOUNTS)).
  assert (credit (dev n) (xattr_bytes (xattrs n)) s2' = Some (s3, Ok tt)) as C6.
  { apply (credit_spec s2' (fun d => u d - if dev n =? d then b else 0)); [by rewrite C2|done|].
    rewrite Z.eqb_refl. unfold bytes_of in Hle. fold b in Hle. lia. }
  exists (set_inodes s3 (<[i := None]> (inodes s)) (i :: free_inodes s)).
  split.
  - assert ((match kind n with
             | HostBacked source _ => do! _ <- op_modify (fun s => set_released s (released_sources s ++ [source])); emit ExchangePending
             | _ => op_ret tt end) s = Some (s1, Ok tt)) as C0 by (unfold s1; by destruct (kind n)).
    erewrite bind_ok by exact C0. erewrite bind_ok by exact C1. erewrite bind_ok by exact C6.
    unfold op_modify, s3. cbn. by rewrite C3, C4.
  - destruct (slab_free s i n Hs Hi) as [G1 G2]. split; [exact G1|]. split; [exact G2|]. split; [exact C5|].
    cbn. apply map_ext. intros m. unfold bytes_of, u. fold b. destruct (_ =? _); lia.
Qed.

(** A file that may be without references is freed, or it has some. *)
Lemma holds_free {X Y pend os ps s} (H : holds X Y pend os ps s) Y' i n : tab s !! i = Some n -> is_dir_inode n = false ->
  (forall j, j <> i -> ~ In j Y' -> ~ In j Y) ->
  exists s', maybe_free i s = Some (s', Ok tt) /\ holds X Y' pend os ps s' /\ frees s s'
    /\ tab s' = if unreferenced n then delete i (tab s) else tab s.
Proof.
  intros Hi Hd HY.
  destruct H as (S1 & F & S3). destruct (f_file _ _ _ _ _ _ _ _ F i n Hi Hd) as [K1 _]. destruct (f_refs _ _ _ _ _ _ _ _ F i n Hi) as (R1 & R2 & R3).
  destruct (unreferenced n) eqn:Eu.
  - destruct (f_bytes _ _ _ _ _ _ _ _ F) as (extra & Hx & Hb). destruct (maybe_free_delete s i n extra) as (s' & E1 & E2 & E3 & E4 & E5); auto.
    exists s'. split; [done|]. split; [|done]. destruct E4 as (Q1 & Q2 & _). split; [done|]. split; [|by rewrite Q2].
    unfold unreferenced in Eu. to_prop. pose proof (links_nonneg (tab s) i). pose proof (cnt_nonneg (Nat.eqb i) pend).
    rewrite E3, Q1. apply (fs_delete F Y' pend _ i n Hi); auto.
    + by apply is_dir_kids.
    + unfold occ in *. lia.
    + rewrite Hd. split; [done|]. rewrite occ_pos. unfold occ in *. lia.
    + rewrite occ_pos. lia.
    + rewrite occ_pos. lia.
    + by exists extra.
  - rewrite (maybe_free_keep _ i n) by done. exists s. split; [done|]. split; [|done]. split; [done|]. split; [|done].
    apply (fs_live F). intros j m Hj HjY HjY'. destruct (decide (j = i)) as [->|Hne]; [congruence|]. by destruct (HY j Hne HjY').
Qed.

(** ** Steps on the invariant *)

Section Steps.
Context {X Y pend os ps : list nat} {s : TmpfsState}.
Hypothesis H : holds X Y pend os ps s.

Lemma holds_fs : fs_ok X Y pend os ps (tab s) (mount_roots s) (mount_bytes s).
Proof. apply H. Qed.

Lemma child_at p n i : child (tab s) p n = Some i ->
  exists np e, tab s !! p = Some np /\ kind np = Dir e /\ get_name n e = Some i.
Proof.
  unfold child. destruct (tab s !! p) as [np|]; [|done]. destruct (kind np) as [e| | | |] eqn:E; try done. eauto.
Qed.

Lemma isd_at p : isd (tab s) p -> exists np e, tab s !! p = Some np /\ kind np = Dir e.
Proof. apply isd_kind. Qed.

(** One inode replaced by one with the same names: the conditions of [fs_put]
    carry over to the state. *)
Lemma holds_put X' Y' pend' os' ps' i n n' : tab s !! i = Some n ->
  fs_ok X' Y' pend' os' ps' (<[i := n']> (tab s)) (mount_roots s) (mount_bytes s) ->
  holds X' Y' pend' os' ps' (put s i n').
Proof.
  intros Hi F. destruct H as (H1 & H2 & H3). split; [|split; [|done]].
  - apply (slab_put s i n); [done|]. by rewrite <- tab_get.
  - rewrite (tab_put s i n) by done. exact F.
Qed.

(** Changes of an inode that concern neither names nor counts nor bytes. *)
Lemma holds_meta i n n' : tab s !! i = Some n -> kind n' = kind n -> dev n' = dev n -> nlink n' = nlink n ->
  open_count n' = open_count n -> map_pins n' = map_pins n -> xattrs n' = xattrs n -> holds X Y pend os ps (put s i n').
Proof.
  intros Hi Hk Hd Hl Ho Hp Hx. apply (holds_put _ _ _ _ _ i n n' Hi).
  destruct (f_refs _ _ _ _ _ _ _ _ holds_fs i n Hi) as (R1 & R2 & _).
  assert (is_dir_inode n' = is_dir_inode n) as Ed by (unfold is_dir_inode; by rewrite Hk).
  apply (fs_put holds_fs X Y pend os ps (mount_bytes s) i n n'); try done; try congruence.
  - destruct (is_dir_inode n) eqn:E.
    + unfold is_dir_inode in E. destruct (kind n) as [e| | | |] eqn:Ek; try done.
      destruct (f_dir _ _ _ _ _ _ _ _ holds_fs i n e Hi Ek) as (G1 & G2 & G3). split_and!; auto. by rewrite Hl.
    + destruct (f_file _ _ _ _ _ _ _ _ holds_fs i n Hi E) as (G1 & G2). rewrite Hl. split; [done|].
      unfold unreferenced in *. by rewrite Hl, Ho, Hp.
  - eapply accounts_ext; [|apply (f_bytes _ _ _ _ _ _ _ _ holds_fs)]. intros d. unfold bytes_of. rewrite Hk, Hx. lia.
Qed.

(** A name taken out of its directory. *)
Lemma holds_detach p n i : child (tab s) p n = Some i ->
  exists np e s', tab s !! p = Some np /\ kind np = Dir e /\ drop_entry p n s = Some (s', Ok tt)
    /\ holds (p :: X) Y (i :: pend) os ps s' /\ frees s s' /\ mount_bytes s' = mount_bytes s
    /\ tab s' = <[p := with_kind np (Dir (fst (remove_name n e)))]> (tab s)
    /\ (forall d m, child (tab s') d m = bind_name (child (tab s)) p n None d m)
    /\ children e ≡ₚ i :: children (fst (remove_name n e)).
Proof.
  intros Hc. destruct (child_at p n i Hc) as (np & e & Hp & He & Hn). exists np, e.
  assert (children e ≡ₚ i :: children (fst (remove_name n e))) as Hperm.
  { apply get_name_Some in Hn as [ck Hn]. by apply (children_remove n i ck). }
  set (np' := with_kind np (Dir (fst (remove_name n e)))).
  assert (forall d m, child (<[p := np']> (tab s)) d m = bind_name (child (tab s)) p n None d m) as Hch.
  { intros d m. rewrite (child_put _ p np np') by done. unfold bind_name. cbn [np' kind with_kind]. rewrite get_remove_name.
    repeat case_decide; naive_solver (unfold child; rewrite ?Hp, ?He; done). }
  assert (holds (p :: X) Y (i :: pend) os ps (put s p np')) as Hh.
  { apply (holds_put _ _ _ _ _ p np np' Hp). apply (fs_entries holds_fs (i :: pend) p np e); auto.
    - destruct (f_dir _ _ _ _ _ _ _ _ holds_fs p np e Hp He) as (G1 & _). auto with kandelo.
    - rewrite Hperm. cbn. rewrite <- Permutation_middle. done.
    - apply (tree_ext (bind_name (child (tab s)) p n None) _ (isd (tab s)) _ (fun r => In (Some r) (mount_roots s) \/ In r (i :: pend))); [|done..].
      apply (tree_detach (f_tree _ _ _ _ _ _ _ _ holds_fs) _ p n i Hc). intros r _. cbn. intuition.
    - intros m j. rewrite get_remove_name. case_decide; [done|auto]. }
  exists (put s p np'). split_and!; auto; [|done| |].
  - unfold drop_entry, op_modify. rewrite (modify_put s p _ np) by done. by rewrite He.
  - by apply (tab_put s p np).
  - intros d m. rewrite (tab_put s p np) by done. apply Hch.
Qed.

(** A pending name put into a directory. *)
Lemma holds_attach p n i pend' np e ni r0 q0 : pend = i :: pend' -> tab s !! p = Some np -> kind np = Dir e -> get_name n e = None ->
  tab s !! i = Some ni -> dev ni = dev np -> n <> [] -> ~ In slash n ->
  In (Some r0) (mount_roots s) -> find (child (tab s)) r0 q0 = Some p ->
  wp (add_entry p n i) s True (fun s' r => r = Ok true /\ exists e', holds (p :: X) Y pend' os ps s' /\ frees s s'
    /\ mount_bytes s' = mount_bytes s /\ tab s' = <[p := with_kind np (Dir e')]> (tab s)
    /\ (forall d m, child (tab s') d m = bind_name (child (tab s)) p n (Some i) d m) /\ children e' ≡ₚ i :: children e).
Proof.
  intros Ep Hp He Hn Hi Hdev Hne Hsl Hr0 Hq0. unfold wp, add_entry. rewrite <- tab_get, Hp, He.
  destruct (insert_name n i e) as [[e' o]|] eqn:Ei; [|done]. split; [done|]. exists e'.
  assert (by_name e !! n = None) as Hb.
  { unfold get_name in Hn. by destruct (by_name e !! n). }
  pose proof (children_insert n i e e' o Ei Hb) as Hperm.
  set (np' := with_kind np (Dir e')).
  assert (forall d m, child (<[p := np']> (tab s)) d m = bind_name (child (tab s)) p n (Some i) d m) as Hch.
  { intros d m. rewrite (child_put _ p np np') by done. unfold bind_name. cbn [np' kind with_kind]. rewrite (get_insert_name n i e e' o) by done.
    repeat case_decide; naive_solver (unfold child; rewrite ?Hp, ?He; done). }
  assert (In i pend) as Hin by (rewrite Ep; by left).
  assert (isd (tab s) p) as Hdp by (apply isd_kind; eauto).
  assert (isd (tab s) r0) as Hd0.
  { apply list_elem_of_In, list_elem_of_lookup in Hr0 as [m Hm]. destruct (f_root _ _ _ _ _ _ _ _ holds_fs m r0 Hm) as (nd & _ & E1 & E2 & _).
    unfold isd, dirb. by rewrite E1. }
  assert (isd (tab s) i -> ~ In (Some i) (mount_roots s) /\ ~ In i pend') as Hpi.
  { intros (x & ex & Hx & Hkx)%isd_at. destruct (f_dir _ _ _ _ _ _ _ _ holds_fs i x ex Hx Hkx) as (_ & _ & G3).
    rewrite Ep, occ_cons, decide_True in G3 by done. rewrite root_count_pos, occ_pos. pose proof (links_nonneg (tab s) i).
    pose proof (cnt_nonneg (fun o => bool_decide (o = Some i)) (mount_roots s)). pose proof (cnt_nonneg (Nat.eqb i) pend').
    unfold root_count, occ in *. lia. }
  assert (holds (p :: X) Y pend' os ps (put s p np')) as Hh.
  { apply (holds_put _ _ _ _ _ p np np' Hp). apply (fs_entries holds_fs pend' p np e); auto.
    - destruct (f_dir _ _ _ _ _ _ _ _ holds_fs p np e Hp He) as (G1 & _). by apply (entries_ok_insert n i e e' o).
    - rewrite Hperm, Ep. cbn. by rewrite Permutation_middle.
    - apply (tree_ext (bind_name (child (tab s)) p n (Some i)) _ (isd (tab s)) _ (fun r => In (Some r) (mount_roots s) \/ In r pend')); [|done..].
      apply (tree_attach (f_tree _ _ _ _ _ _ _ _ holds_fs) _ p n i r0 q0); auto.
      + unfold child. by rewrite Hp, He.
      + intros E. subst r0. by apply (proj1 (Hpi Hd0)).
      + intros r Hr. rewrite Ep. cbn. split; [|intuition; by subst].
        intros [Hx|Hx]; (split; [auto|]); intros E; subst r; [by apply (proj1 (Hpi Hr)) | by apply (proj2 (Hpi Hr))].
    - intros m j. rewrite (get_insert_name n i e e' o) by done. case_decide as Em; [|auto]. intros E. injection E as <-.
      right. subst m. eauto. }
  split_and!; auto; [done| |].
  - by apply (tab_put s p np).
  - intros d m. rewrite (tab_put s p np) by done. apply Hch.
Qed.

(** The link count of a directory brought up to date. *)
Lemma holds_nlink_at p n X' l : (forall j, j <> p -> In j X -> In j X') -> tab s !! p = Some n -> is_dir_inode n = true ->
  l = 2 + subdirs (tab s) n -> holds X' Y pend os ps (put s p (with_nlink n l)).
Proof.
  intros Ex Hp Hd Hl. apply (holds_put _ _ _ _ _ p n _ Hp). unfold is_dir_inode in Hd.
  destruct (kind n) as [e| | | |] eqn:Ek; try done. destruct (f_refs _ _ _ _ _ _ _ _ holds_fs p n Hp) as (R1 & R2 & _).
  apply (fs_put holds_fs X' Y pend os ps (mount_bytes s) p n); try done.
  - intros j Hj. split_and!; auto.
  - unfold is_dir_inode. by rewrite Ek.
  - eapply accounts_ext; [|apply (f_bytes _ _ _ _ _ _ _ _ holds_fs)]. intros d. change (bytes_of (with_nlink n l)) with (bytes_of n). lia.
Qed.

Lemma holds_nlink p n X' l : X = p :: X' -> tab s !! p = Some n -> is_dir_inode n = true ->
  l = 2 + subdirs (tab s) n -> holds X' Y pend os ps (put s p (with_nlink n l)).
Proof. intros Ex. apply holds_nlink_at. intros j Hj. rewrite Ex. intros [?|?]; congruence || done. Qed.

(** Any other value leaves it out of date. *)
Lemma holds_nlink_stale p n l : tab s !! p = Some n -> is_dir_inode n = true ->
  holds (p :: X) Y pend os ps (put s p (with_nlink n l)).
Proof.
  intros Hp Hd. apply (holds_put _ _ _ _ _ p n _ Hp). destruct (f_refs _ _ _ _ _ _ _ _ holds_fs p n Hp) as (R1 & R2 & _).
  apply (fs_put holds_fs (p :: X) Y pend os ps (mount_bytes s) p n); try done.
  - intros j Hj. split_and!; auto. intros HX ?. apply HX. by right.
  - rewrite Hd. split_and!; auto. intros []. by left.
  - eapply accounts_ext; [|apply (f_bytes _ _ _ _ _ _ _ _ holds_fs)]. intros d. change (bytes_of (with_nlink n l)) with (bytes_of n). lia.
Qed.

Lemma holds_same_nlink p n X' : X = p :: X' -> tab s !! p = Some n -> is_dir_inode n = true ->
  nlink n = 2 + subdirs (tab s) n -> holds X' Y pend os ps s.
Proof.
  intros E Hp Hd Hl. destruct H as (H1 & H2 & H3). split; [done|]. split; [|done]. by apply (fs_fix H2 p n).
Qed.

(** The name of a file given up, and the file with its last reference. *)
Lemma holds_release i pend' n : pend = i :: pend' -> tab s !! i = Some n -> is_dir_inode n = false ->
  exists s', (do! _ <- drop_link i; maybe_free i) s = Some (s', Ok tt) /\ holds X Y pend' os ps s' /\ frees s s'
    /\ let n' := with_nlink n (nlink n - 1) in
       tab s' = if unreferenced n' then delete i (tab s) else <[i := n']> (tab s).
Proof.
  intros Ep Hi Hd. destruct (f_file _ _ _ _ _ _ _ _ holds_fs i n Hi Hd) as (G1 & G2).
  destruct (f_refs _ _ _ _ _ _ _ _ holds_fs i n Hi) as (R1 & R2 & R3).
  assert (saturating_sub (nlink n) 1 = nlink n - 1) as El.
  { pose proof (links_nonneg (tab s) i). pose proof (cnt_nonneg (Nat.eqb i) pend'). unfold saturating_sub.
    rewrite Ep, occ_cons, decide_True in G1 by done. unfold occ in G1. lia. }
  set (n' := with_nlink n (nlink n - 1)).
  assert (fs_ok X (i :: Y) pend' os ps (<[i := n']> (tab s)) (mount_roots s) (mount_bytes s)) as F1.
  { apply (fs_put holds_fs X (i :: Y) pend' os ps (mount_bytes s) i n n'); try done.
    - intros j Hj. split_and!; auto; [intros HY ?; apply HY; by right|]. rewrite Ep, occ_cons, decide_False by done. lia.
    - rewrite Hd. cbn [n' nlink with_nlink with_refs]. rewrite Ep, occ_cons, decide_True in G1 by done. split; [lia|]. intros []. by left.
    - eapply accounts_ext; [|apply (f_bytes _ _ _ _ _ _ _ _ holds_fs)]. intros d. change (bytes_of n') with (bytes_of n). lia. }
  assert (holds X (i :: Y) pend' os ps (put s i n')) as H1 by by apply (holds_put _ _ _ _ _ i n n' Hi).
  assert (tab (put s i n') = <[i := n']> (tab s)) as Et by by apply (tab_put s i n).
  assert (tab (put s i n') !! i = Some n') as Hi' by (rewrite Et; apply lookup_insert_eq).
  destruct (holds_free H1 Y i n' Hi' Hd ltac:(intros j Hj HY [?|?]; auto)) as (s' & E1 & H2 & F2 & T2). exists s'. split; [|split; [done|split; [done|]]].
  - unfold op_bind, drop_link, op_modify. by rewrite (modify_put s i _ n), El by done.
  - cbv zeta. fold n'. rewrite T2, Et. destruct (unreferenced n'); [apply delete_insert_eq|done].
Qed.

(** An empty directory without a name. *)
Lemma holds_discard i pend' n : pend = i :: pend' -> tab s !! i = Some n -> is_dir_inode n = true -> kids n = [] ->
  exists s', (do! _ <- set_nlink i 0; maybe_free i) s = Some (s', Ok tt) /\ holds X Y pend' os ps s' /\ frees s s'
    /\ tab s' = delete i (tab s).
Proof.
  intros Ep Hi Hd Hk. set (n' := with_nlink n 0).
  assert (holds (i :: X) Y pend os ps (put s i n')) as (S1 & F & S3).
  { apply (holds_put _ _ _ _ _ i n n' Hi). destruct (f_refs _ _ _ _ _ _ _ _ holds_fs i n Hi) as (R1 & R2 & _).
    apply (fs_put holds_fs (i :: X) Y pend os ps (mount_bytes s) i n n'); try done.
    - intros j Hj. split_and!; auto. intros HX ?. apply HX. by right.
    - rewrite Hd. split_and!; auto. intros []. by left.
    - eapply accounts_ext; [|apply (f_bytes _ _ _ _ _ _ _ _ holds_fs)]. intros d. change (bytes_of n') with (bytes_of n). lia. }
  assert (tab (put s i n') = <[i := n']> (tab s)) as Et by by apply (tab_put s i n).
  assert (tab (put s i n') !! i = Some n') as Hi' by (rewrite Et; apply lookup_insert_eq).
  assert (op_bind (set_nlink i 0) (fun _ => maybe_free i) s = maybe_free i (put s i n')) as Eop.
  { unfold op_bind, set_nlink, op_modify. by rewrite (modify_put s i _ n). }
  assert (~ In i os /\ ~ In i ps) as [Ho Hps].
  { split; intros Hin; destruct (f_held _ _ _ _ _ _ _ _ holds_fs i) as (m & ? & ?); auto; congruence. }
  destruct (f_refs _ _ _ _ _ _ _ _ F i n' Hi') as (R1 & R2 & R3).
  assert (unreferenced n' = true) as Eu.
  { unfold unreferenced. rewrite R1, R2, !occ_zero by done. done. }
  destruct (f_bytes _ _ _ _ _ _ _ _ F) as (extra & Hx & Hb).
  rewrite Eop. destruct (maybe_free_delete (put s i n') i n' extra) as (s' & E1 & E2 & E3 & E4 & E5); auto.
  exists s'. split; [done|]. split; [|split; [by apply (frees_trans _ (put s i n'))|rewrite E3, Et; apply delete_insert_eq]].
  destruct E4 as (Q1 & Q2 & _). split; [done|]. split; [|by rewrite Q2].
  assert (exists e, kind n' = Dir e) as [e Ek].
  { unfold is_dir_inode in Hd. change (kind n') with (kind n). destruct (kind n); try done. eauto. }
  destruct (f_dir _ _ _ _ _ _ _ _ F i n' e Hi' Ek) as (_ & _ & G3). rewrite Ep, occ_cons, decide_True in G3 by done.
  pose proof (links_nonneg (tab (put s i n')) i). pose proof (cnt_nonneg (Nat.eqb i) pend').
  pose proof (cnt_nonneg (fun o => bool_decide (o = Some i)) (mount_roots s)). unfold root_count, occ in G3. cbn [mount_roots put set_inodes] in G3.
  rewrite E3, Q1.
  assert (fs_ok (i :: X) Y pend' os ps (delete i (tab (put s i n'))) (mount_roots s)
            (mount_bytes s')) as F'.
  { apply (fs_delete F Y pend' _ i n' Hi'); auto; [lia| |by exists extra]. change (is_dir_inode n') with (is_dir_inode n). rewrite Hd. split; [done|].
    rewrite root_count_pos. unfold root_count. cbn [mount_roots put set_inodes]. lia. }
  split; try apply F'. intros j m e0 Hj Hkj. destruct (f_dir _ _ _ _ _ _ _ _ F' j m e0 Hj Hkj) as (K1 & K2 & K3).
  split_and!; auto. intros HX. apply K2. intros [<-|?]; [by rewrite lookup_delete_eq in Hj|done].
Qed.

(** A new inode. *)
Lemma holds_new n : nlink n = (if is_dir_inode n then 2 else 1) -> (forall e, kind n = Dir e -> e = new_entries) ->
  open_count n = 0 -> map_pins n = 0 -> bytes_of n = 0 -> is_Some (mount_of_dev (dev n)) ->
  wp (insert_inode n) s True (fun s' r => exists i, r = Ok i /\ holds X Y (i :: pend) os ps s' /\ frees s s'
    /\ mount_bytes s' = mount_bytes s /\ tab s !! i = None /\ tab s' = <[i := n]> (tab s)).
Proof.
  intros Hl He Ho Hp Hb Hv. destruct H as (H1 & H2 & H3).
  eapply wp_mono; [by apply insert_inode_spec|done|]. cbv beta. intros s' r (i & -> & S1 & S2 & S3 & S4).
  exists i. split; [done|]. split; [|split_and!; [by rewrite S4..|done|done]].
  split; [done|]. rewrite S3. assert (mount_roots s' = mount_roots s /\ mount_bytes s' = mount_bytes s /\ byte_limits s' = byte_limits s)
    as (-> & -> & ->) by (rewrite S4; done).
  split; [|done]. apply (fs_new H2); auto. unfold kids. destruct (kind n) as [e| | | |] eqn:Ek; try done.
  rewrite (He e eq_refl). apply children_new.
Qed.

(** [recompute_dir_nlink]: a directory never has more children than there are
    slots, so the count fits. *)
Lemma subdirs_bound d n : tab s !! d = Some n -> 0 <= subdirs (tab s) n <= SLAB_MAX.
Proof.
  intros Hd. unfold subdirs, cnt. split; [lia|].
  assert (List.NoDup (List.filter (dirb (tab s)) (kids n))) as Hnd.
  { assert (forall l, (forall i, In i l -> occ i l <= 1) -> List.NoDup l) as G.
    { induction l as [|x l IH]; intros Hl; constructor.
      - rewrite occ_pos. specialize (Hl x (or_introl eq_refl)). rewrite occ_cons, decide_True in Hl by done. lia.
      - apply IH. intros i Hi. specialize (Hl i (or_intror Hi)). rewrite occ_cons in Hl. case_decide; lia. }
    apply G. intros i [Hi Hdi]%filter_In.
    assert (occ i (List.filter (dirb (tab s)) (kids n)) <= occ i (kids n)).
    { clear. induction (kids n) as [|x l IH]; [done|]. cbn. destruct (dirb (tab s) x); rewrite !occ_cons; case_decide; lia. }
    apply isd_kind in Hdi as (ni & ei & Hni & Hki). destruct (f_dir _ _ _ _ _ _ _ _ holds_fs i ni ei Hni Hki) as (_ & _ & G3).
    pose proof (map_sum_le (fun n => occ i (kids n)) (tab s) d n ltac:(intros; apply cnt_nonneg) Hd) as Hle. cbv beta in Hle.
    pose proof (cnt_nonneg (Nat.eqb i) pend). pose proof (cnt_nonneg (fun o => bool_decide (o = Some i)) (mount_roots s)).
    unfold links, root_count, occ in *. lia. }
  assert (length (List.filter (dirb (tab s)) (kids n)) <= length (inodes s))%nat as Hle.
  { replace (length (inodes s)) with (length (List.seq 0 (length (inodes s)))) by apply List.length_seq. apply NoDup_incl_length; [done|]. intros i [_ Hi]%filter_In. apply in_seq.
    apply isd_kind in Hi as (ni & ei & Hni & _). rewrite tab_get in Hni. apply get_lt, lookup_lt_Some in Hni. lia. }
  destruct H as ((_ & _ & Hs) & _). lia.
Qed.

Lemma recompute_spec d n X' : (forall j, j <> d -> In j X -> In j X') -> tab s !! d = Some n -> is_dir_inode n = true ->
  exists s', recompute_dir_nlink d s = Some (s', Ok tt) /\ holds X' Y pend os ps s' /\ frees s s'
    /\ s' = put s d (with_nlink n (2 + subdirs (tab s) n)).
Proof.
  intros HX Hd Hdn. exists (put s d (with_nlink n (2 + subdirs (tab s) n))). split; [|split_and!; try done; by apply holds_nlink_at].
  unfold recompute_dir_nlink, entries_of. rewrite <- tab_get, Hd. unfold is_dir_inode in Hdn.
  destruct (kind n) as [e| | | |] eqn:Ek; try done. pose proof (subdirs_bound d n Hd) as Hb.
  assert (lenZ (List.filter (is_dir_at s) (children e)) = subdirs (tab s) n) as Ec.
  { unfold subdirs, cnt, kids. rewrite Ek. f_equal. f_equal. apply List.filter_ext. intros i. unfold is_dir_at, dirb. by rewrite tab_get. }
  rewrite Ec. unfold as_u32. rewrite Z.mod_small by (unfold SLAB_MAX in Hb; lia).
  unfold checked_add. rewrite (proj2 (Z.leb_le _ _)) by (unfold SLAB_MAX, u32_max in *; lia).
  by rewrite (modify_put s d _ n).
Qed.
End Steps.
