(* ===== verification/TmpfsOps.v ===== *)
(** * Operations of the in-memory file system

    Every operation of Tmpfs.v keeps the invariant of TmpfsInv.v, and what it
    does to the tree of names. *)

From S2P Require Import Prelude Path NameTree Tmpfs TmpfsInv TmpfsSteps.
From Stdlib Require Import Permutation.

Abbreviation names s := (child (tab s)).

(** ** Running a method *)

Section Run.
Context {S A B : Type}.
Implicit Types (P : Prop) (Q : S -> result B -> Prop).
Lemma wp_ret_bind (a : A) (k : A -> op S B) s P Q : wp (k a) s P Q -> wp (op_bind (op_ret a) k) s P Q.
Proof. done. Qed.
Lemma wp_get_bind (f : S -> A) (k : A -> op S B) s P Q : wp (k (f s)) s P Q -> wp (op_bind (op_get f) k) s P Q.
Proof. done. Qed.
Lemma wp_modify_bind (f : S -> S) (k : unit -> op S B) s P Q : wp (k tt) (f s) P Q -> wp (op_bind (op_modify f) k) s P Q.
Proof. done. Qed.
Lemma wp_lift_bind (r : result A) (k : A -> op S B) s P Q :
  match r with Ok a => wp (k a) s P Q | Err e => Q s (Err e) end -> wp (op_bind (op_lift r) k) s P Q.
Proof. by destruct r. Qed.
Lemma wp_ok_or_bind (o : option A) e (k : A -> op S B) s P Q :
  match o with Some a => wp (k a) s P Q | None => Q s (Err e) end -> wp (op_bind (op_lift (ok_or o e)) k) s P Q.
Proof. by destruct o. Qed.
Lemma wp_some_bind (o : option A) a (k : A -> op S B) s P Q : o = Some a ->
  wp (k a) s P Q -> wp (op_bind (op_some o) k) s P Q.
Proof. by intros ->. Qed.
Lemma wp_eq_bind (m : op S A) (k : A -> op S B) s s' a P Q : m s = Some (s', Ok a) ->
  wp (k a) s' P Q -> wp (op_bind m k) s P Q.
Proof. intros E. unfold wp, op_bind. by rewrite E. Qed.
Lemma wp_eq (m : op S B) s s' r P Q : m s = Some (s', r) -> Q s' r -> wp m s P Q.
Proof. intros E. unfold wp. by rewrite E. Qed.
Lemma wp_spec_bind (m : op S A) (k : A -> op S B) s P P' Q R : wp m s P' R -> (P' -> P) ->
  (forall s' a, R s' (Ok a) -> wp (k a) s' P Q) -> (forall s' e, R s' (Err e) -> Q s' (Err e)) -> wp (op_bind m k) s P Q.
Proof.
  intros Hm HP Hk He. apply wp_bind. eapply wp_mono; [exact Hm|exact HP|]. intros s' [a|e] HR; auto.
Qed.
End Run.
Lemma wp_assoc {S A B C} (f : op S A) (g : A -> op S B) (h : B -> op S C) s P Q :
  wp (op_bind f (fun a => op_bind (g a) h)) s P Q -> wp (op_bind (op_bind f g) h) s P Q.
Proof. unfold wp, op_bind. by destruct (f s) as [[s0 [a|e]]|]. Qed.

Lemma wp_get_or {B} i e n (k : Inode -> op TmpfsState B) s P Q : tab s !! i = Some n ->
  wp (k n) s P Q -> wp (op_bind (get_or i e) k) s P Q.
Proof. rewrite tab_get. intros E. unfold wp, get_or, op_bind, op_get, op_lift. by rewrite E. Qed.

(** ** Resolution *)

Lemma walk_spec s r q :
  match walk s r q with
  | Ok i => find (names s) r q = Some i
  | Err e => find (names s) r q = None /\ (e = ENOENT \/ e = ENOTDIR)
  end.
Proof.
  revert r. induction q as [|c q IH]; intros r; [done|]. cbn [walk find]. unfold child at 1 3. rewrite tab_get.
  destruct (get s r) as [n|]; cbn [ok_or]; [|auto]. destruct (kind n) as [e| | | |]; try (by auto).
  destruct (get_name c e) as [i|]; cbn [ok_or]; [apply IH | auto].
Qed.

Lemma root_ready s m r : mount_roots s !! m = Some (Some r) -> mount_root m s = Some (s, Ok r).
Proof. intros H. unfold mount_root, op_bind, op_some. by rewrite H. Qed.

(** A directory reached from the root of a mount is on its device. *)
Lemma find_dev {X Y pend os ps s} (H : holds X Y pend os ps s) r q i nr : tab s !! r = Some nr ->
  find (names s) r q = Some i -> exists ni, tab s !! i = Some ni /\ dev ni = dev nr.
Proof.
  intros Hr. revert i. induction q as [|n q IH] using rev_ind; intros i; [naive_solver|].
  rewrite find_snoc. destruct (find (names s) r q) as [d|]; [|done]. intros Hi.
  destruct (IH d eq_refl) as (nd & Hd & Ed). destruct (f_child _ _ _ _ _ _ _ _ (holds_fs H) d n i Hi) as (nd' & ni & E1 & E2 & E3 & _).
  exists ni. split; congruence.
Qed.

(** What a new name leaves alone: every inode but the parent and the new one. *)
Record created (s s' : TmpfsState) (p : nat) (n : list Z) (i : nat) (nd : Inode) : Prop := {
  c_fresh : tab s !! i = None;
  c_names : forall d m, names s' d m = bind_name (names s) p n (Some i) d m;
  c_other : forall j, j <> p -> j <> i -> tab s' !! j = tab s !! j;
  c_node : tab s' !! i = Some nd;
  c_parent : forall np, tab s !! p = Some np -> exists np', tab s' !! p = Some np' /\ dev np' = dev np /\ is_dir_inode np' = is_dir_inode np;
  c_roots : mount_roots s' = mount_roots s }.

(** The condition on a node to be created. *)
Definition fresh_node (n : Inode) (dv : Z) : Prop :=
  nlink n = (if is_dir_inode n then 2 else 1) /\ (forall e, kind n = Dir e -> e = new_entries)
  /\ open_count n = 0 /\ map_pins n = 0 /\ bytes_of n = 0 /\ dev n = dv.

Lemma fresh_dir t md u g dv i : fresh_node (new_inode t (Dir new_entries) md u g 2 dv i) dv.
Proof. split; [done|]. split; [intros e E; by injection E|]. by split_and!. Qed.
Lemma fresh_file t k md u g dv i : (match k with Dir _ => False | Regular d => d = [] | _ => True end) ->
  fresh_node (new_inode t k md u g 1 dv i) dv.
Proof. destruct k; try done; intros; subst; by split_and!. Qed.
#[global] Hint Resolve fresh_dir : tmpfs.
#[global] Hint Extern 1 (fresh_node (new_inode _ _ _ _ _ 1 _ _) _) => apply fresh_file : tmpfs.

Section Create.
Context {os ps : list nat} {s : TmpfsState} (H : good os ps s).
Context (r : nat) (q : list (list Z)) (p : nat) (n : list Z) (np : Inode) (dv : Z).
Hypothesis Hroot : In (Some r) (mount_roots s).
Hypothesis Hq : find (names s) r q = Some p.
Hypothesis Hp : tab s !! p = Some np.
Hypothesis Hdir : is_dir_inode np = true.
Hypothesis Hnone : names s p n = None.
Hypothesis Hdev : dev np = dv.
Hypothesis Hname : n <> [] /\ ~ In slash n.

Lemma parent_dev : is_Some (mount_of_dev dv).
Proof. rewrite <- Hdev. by apply (f_refs _ _ _ _ _ _ _ _ (holds_fs H) p np). Qed.

(** The parent's entries and its link count, when the count is wrong by the
    new directory. *)
Lemma add_node_spec mk : (forall t i, fresh_node (mk t i) dv) ->
  wp (add_node p n mk) s True (fun s' x => exists i nd, x = Ok i /\ created s s' p n i nd
    /\ fresh_node nd dv /\ (exists t ino, nd = mk t ino)
    /\ (if is_dir_inode nd then holds [p] [] [] os ps s' else good os ps s')
    /\ exists np', tab s' !! p = Some np' /\ nlink np' = nlink np /\ is_dir_inode np' = true
       /\ subdirs (tab s') np' = subdirs (tab s) np + if is_dir_inode nd then 1 else 0).
Proof.
  intros Hmk. unfold add_node. apply wp_bind. unfold wp at 1, alloc_ino. destruct (checked_add _ _ _) as [next|]; [|done].
  set (s1 := set_next_ino s next). apply wp_get_bind. set (nd := mk (now s1) (next_ino s)).
  pose proof (Hmk (now s1) (next_ino s)) as Hfr. fold nd in Hfr. destruct Hfr as (M1 & M2 & M3 & M4 & M5 & M6).
  assert (good os ps s1) as H1 by exact H.
  eapply wp_spec_bind; [apply (holds_new H1 nd); auto; rewrite M6; apply parent_dev|done| |by intros s' e (i & ? & _)].
  intros s2 i (i' & E & H2 & (F1 & F2 & _) & _ & Hi & Et). injection E as <-.
  change (tab s1) with (tab s) in *. assert (i <> p) as Hip by (intros ->; congruence).
  unfold is_dir_inode in Hdir. destruct (kind np) as [e| | | |] eqn:Ek; try done.
  assert (tab s2 !! p = Some np) as Hp2 by (rewrite Et, lookup_insert_ne; done).
  assert (forall d m, names s2 d m = names s d m) as Hn2.
  { intros d m. unfold child. rewrite Et. destruct (decide (d = i)) as [->|Hne]; [|by rewrite lookup_insert_ne].
    rewrite lookup_insert_eq, Hi. destruct (kind nd) as [x| | | |] eqn:Ekd; try done. rewrite (M2 x eq_refl). unfold get_name. cbn. by rewrite lookup_empty. }
  assert (tab s2 !! i = Some nd) as Hi2 by (rewrite Et; apply lookup_insert_eq).
  assert (get_name n e = None) as Hgn by (unfold child in Hnone; by rewrite Hp, Ek in Hnone).
  eapply wp_spec_bind; [apply (holds_attach H2 p n i [] np e nd r q); auto|done| |by intros s' e' (? & _)].
  - by rewrite M6.
  - apply Hname.
  - apply Hname.
  - by rewrite F1.
  - by rewrite (find_ext (names s) (names s2)).
  - intros s3 b (E & e' & H3 & (G1 & G2 & _) & _ & Et3 & Hn3 & Hperm). injection E as ->. cbn [wp op_ret].
    assert (created s s3 p n i nd) as Hcr.
    { split; auto.
      - intros d m. rewrite Hn3. unfold bind_name. case_decide; [done|apply Hn2].
      - intros j J1 J2. rewrite Et3, lookup_insert_ne, Et, lookup_insert_ne by auto. done.
      - by rewrite Et3, lookup_insert_ne.
      - intros np0 E0. assert (np0 = np) as -> by congruence. exists (with_kind np (Dir e')). rewrite Et3, lookup_insert_eq.
        unfold is_dir_inode. cbn. by rewrite Ek.
      - by rewrite G1, F1. }
    set (np' := with_kind np (Dir e')) in *.
    assert (tab s3 !! p = Some np') as Hp3 by (rewrite Et3; apply lookup_insert_eq).
    assert (forall j, j <> i -> dirb (tab s3) j = dirb (tab s) j) as Hdb.
    { intros j Hj. rewrite Et3, (dirb_put (tab s2) p np) by (try done; unfold is_dir_inode; cbn; by rewrite Ek).
      unfold dirb. by rewrite Et, lookup_insert_ne. }
    assert (dirb (tab s3) i = is_dir_inode nd) as Hdi by (unfold dirb; by rewrite (c_node _ _ _ _ _ _ Hcr)).
    assert (subdirs (tab s3) np' = subdirs (tab s) np + if is_dir_inode nd then 1 else 0) as Hsub.
    { unfold subdirs, kids. cbn [np' kind with_kind]. rewrite Ek, Hperm, cnt_cons, Hdi.
      rewrite (cnt_ext (dirb (tab s3)) (dirb (tab s))); [destruct (is_dir_inode nd); lia|]. intros j Hj. apply Hdb.
      intros ->. apply in_children in Hj as (m & ck & Hm).
      destruct (f_child _ _ _ _ _ _ _ _ (holds_fs H) p m i) as (x & y & _ & E2 & _); [|congruence].
      unfold child. rewrite Hp, Ek. apply get_name_Some. eauto. }
    exists i, nd. split; [done|]. split; [done|]. split; [by split_and!|]. split; [by eexists _, _|]. split.
    + destruct (is_dir_inode nd) eqn:Ed; [done|]. apply (holds_same_nlink H3 p np'); auto. rewrite Hsub.
      destruct (f_dir _ _ _ _ _ _ _ _ (holds_fs H) p np e Hp Ek) as (_ & K2 & _). cbn [np' nlink with_kind]. rewrite K2 by (by intros []). lia.
    + by exists np'.
Qed.
End Create.

Section CreateDir.
Context {os ps : list nat} {s : TmpfsState} (H : good os ps s).
Context (r : nat) (q : list (list Z)) (p : nat) (n : list Z) (np : Inode) (dv : Z).
Hypothesis Hroot : In (Some r) (mount_roots s).
Hypothesis Hq : find (names s) r q = Some p.
Hypothesis Hp : tab s !! p = Some np.
Hypothesis Hdir : is_dir_inode np = true.
Hypothesis Hnone : names s p n = None.
Hypothesis Hdev : dev np = dv.
Hypothesis Hname : n <> [] /\ ~ In slash n.

Lemma nlink_exact : nlink np = 2 + subdirs (tab s) np.
Proof.
  unfold is_dir_inode in Hdir. destruct (kind np) as [e| | | |] eqn:E; try done.
  destruct (f_dir _ _ _ _ _ _ _ _ (holds_fs H) p np e Hp E) as (_ & K & _). apply K. by intros [].
Qed.

(** A directory: the parent gains a link. *)
Lemma add_dir_spec mk : (forall t i, fresh_node (mk t i) dv /\ is_dir_inode (mk t i) = true) ->
  wp (do! i <- add_node p n mk; do! _ <- add_link p; op_ret i) s True (fun s' x => exists i nd, x = Ok i /\ created s s' p n i nd
    /\ fresh_node nd dv /\ (exists t ino, nd = mk t ino) /\ good os ps s').
Proof.
  intros Hmk. eapply wp_spec_bind; [by apply (add_node_spec H r q p n np dv); auto; intros; apply Hmk|done| |].
  2: { intros s' e (i & nd & ? & _). done. }
  intros s1 i (i' & nd & E & Hc & Hf & (t & ino & Hmk') & Hh & np' & Hp' & Hl & Hd' & Hs). injection E as <-.
  assert (is_dir_inode nd = true) as Hdn by (rewrite Hmk'; apply Hmk). rewrite Hdn in *.
  assert (p <> i) as Hpi by (intros ->; rewrite (c_fresh _ _ _ _ _ _ Hc) in Hp; done).
  apply wp_bind. unfold wp at 1, add_link. rewrite <- tab_get, Hp'. unfold checked_add.
  destruct (_ <=? u32_max); [|done]. cbn [wp op_ret]. exists i, nd. split; [done|]. split; [|split_and!; eauto].
  - assert (tab (put s1 p (with_nlink np' (nlink np' + 1))) = <[p := with_nlink np' (nlink np' + 1)]> (tab s1)) as Et by by apply (tab_put s1 p np').
    split; rewrite ?Et.
    + apply Hc.
    + intros d m. rewrite (child_put _ p np') by done. case_decide as Hdp; [|apply Hc]. subst d. rewrite <- (c_names _ _ _ _ _ _ Hc).
      unfold child. by rewrite Hp'.
    + intros j J1 J2. rewrite lookup_insert_ne by done. by apply Hc.
    + rewrite lookup_insert_ne by done. apply Hc.
    + intros np0 (np1 & E1 & E2 & E3)%(c_parent _ _ _ _ _ _ Hc). exists (with_nlink np' (nlink np' + 1)). rewrite lookup_insert_eq.
      assert (np1 = np') as -> by congruence. by split_and!.
    + apply Hc.
  - apply (holds_nlink Hh p np'); auto. rewrite Hs, Hl, nlink_exact. lia.
Qed.
End CreateDir.

(** [add_link] and [add_entry] of one directory commute. *)
Lemma put_put s i n n' : put (put s i n) i n' = put s i n'.
Proof. unfold put, set_inodes. cbn. by rewrite list_insert_insert_eq. Qed.
Lemma get_put s i n n' : get s i = Some n -> get (put s i n') i = Some n'.
Proof. intros E. rewrite <- tab_get, (tab_put s i n) by by rewrite tab_get. apply lookup_insert_eq. Qed.

Lemma link_then_entry s p n i np e : get s p = Some np -> kind np = Dir e ->
  (do! _ <- add_link p; do! _ <- add_entry p n i; op_ret tt) s
  = (do! b <- add_entry p n i; do! _ <- (if b : bool then add_link p else op_err ENOTDIR); op_ret tt) s.
Proof.
  intros Hp Hk. unfold op_bind, add_link, add_entry. rewrite Hp, Hk.
  destruct (checked_add u32_max (nlink np) 1) as [l|] eqn:El.
  - rewrite (get_put s p np) by done. cbn [kind with_nlink with_refs]. rewrite Hk. destruct (insert_name n i e) as [[e' o]|]; [|done].
    rewrite (get_put s p np) by done. cbn [nlink with_kind]. rewrite El. unfold op_ret. by rewrite !put_put.
  - destruct (insert_name n i e) as [[e' o]|]; [|done]. rewrite (get_put s p np) by done. cbn [nlink with_kind]. by rewrite El.
Qed.

Definition node_of (t : Z * Z) (node : LayoutNode) (dv ino : Z) : Inode :=
  if type_bits node =? S_IFDIR then new_inode t (Dir new_entries) (l_mode node) (l_uid node) (l_gid node) 2 dv ino
  else new_inode t (Special (type_bits node)) (l_mode node) (l_uid node) (l_gid node) 1 dv ino.

Lemma node_of_fresh t node dv i : fresh_node (node_of t node dv i) dv /\ is_dir_inode (node_of t node dv i) = (type_bits node =? S_IFDIR).
Proof. unfold node_of. destruct (_ =? _); auto with tmpfs. Qed.

(** A node of the fixed layout, below a parent that exists. *)
Lemma layout_step {os ps s} (H : good os ps s) root node dv q n p np : In (Some root) (mount_roots s) ->
  split_components (l_path node) = q ++ [n] -> find (names s) root q = Some p -> tab s !! p = Some np ->
  is_dir_inode np = true -> dev np = dv -> names s p n = None -> n <> [] /\ ~ In slash n ->
  wp (insert_layout_node root node dv) s True (fun s' x => x = Ok tt /\ good os ps s'
    /\ exists i nd, created s s' p n i nd /\ is_dir_inode nd = (type_bits node =? S_IFDIR) /\ dev nd = dv).
Proof.
  intros Hr Hs Hq Hp Hd Hv Hn Hname. unfold insert_layout_node. rewrite Hs.
  apply (wp_some_bind _ n); [apply last_snoc|]. rewrite removelast_last.
  assert (walk s root q = Ok p) as Hw.
  { pose proof (walk_spec s root q) as Hw. destruct (walk s root q) as [i|e]; [congruence|]. destruct Hw. congruence. }
  apply (wp_eq_bind _ _ s s p); [by rewrite Hw|].
  assert (exists e, kind np = Dir e) as [e Ek] by (unfold is_dir_inode in Hd; destruct (kind np); try done; eauto).
  set (mk := fun t i => node_of t node dv i).
  destruct (type_bits node =? S_IFDIR) eqn:Et.
  - (* the order of the two updates of the parent does not matter *)
    assert (wp (do! i <- add_node p n mk; do! _ <- add_link p; op_ret i) s True (fun s' x => exists i nd, x = Ok i /\ created s s' p n i nd
      /\ fresh_node nd dv /\ (exists t ino, nd = mk t ino) /\ good os ps s')) as Hw'.
    { apply (add_dir_spec H root q p n np dv); auto. intros t i. rewrite <- Et. apply node_of_fresh. }
    unfold add_node, mk in Hw'. unfold wp, op_bind in Hw' |- *. destruct (alloc_ino s) as [[s1 [i1|e1]]|] eqn:Ea; [|by destruct Hw' as (? & ? & ? & _)|done].
    assert (forall t i, (if type_bits node =? S_IFDIR then new_inode t (Dir new_entries) (l_mode node) (l_uid node) (l_gid node) 2 dv i
               else new_inode t (Special (type_bits node)) (l_mode node) (l_uid node) (l_gid node) 1 dv i) = node_of t node dv i) as En by done.
    rewrite Et in En. cbn [op_get] in *. rewrite En.
    pose proof (insert_inode_spec s1 (node_of (now s1) node dv i1)) as Hi. unfold wp in Hi.
    destruct (insert_inode _ s1) as [[s2 [i2|e2]]|] eqn:Ei; [|by destruct Hw' as (? & ? & ? & _)|done].
    assert (get s2 p = Some np) as Hp2.
    { unfold alloc_ino in Ea. destruct (checked_add _ _ _); [|done]. injection Ea as <- <-.
      destruct Hi as (i' & _ & _ & Hfr & Etab & _); [apply H|]. rewrite <- tab_get, Etab, lookup_insert_ne; [done|].
      intros ->. change (tab (set_next_ino s z)) with (tab s) in Hfr. congruence. }
    pose proof (link_then_entry s2 p n i2 np e Hp2 Ek) as Hlink. unfold op_bind in Hlink. rewrite Hlink. clear Hlink.
    destruct (add_entry p n i2 s2) as [[s3 [[|]|e3]]|]; try done; try (by destruct Hw' as (? & ? & ? & _)).
    cbn [op_ret] in *. destruct (add_link p s3) as [[s4 [[]|e4]]|]; [|by destruct Hw' as (? & ? & ? & _)|done].
    cbn. destruct Hw' as (i & nd & _ & Hc & Hf & (t & ino & Hnd) & Hg). split; [done|]. split; [done|]. exists i, nd.
    rewrite Hnd. split_and!; [by rewrite <- Hnd|rewrite <- Et; apply node_of_fresh|apply node_of_fresh].
  - assert (wp (add_node p n mk) s True (fun s' x => exists i nd, x = Ok i /\ created s s' p n i nd
      /\ fresh_node nd dv /\ (exists t ino, nd = mk t ino) /\ (if is_dir_inode nd then holds [p] [] [] os ps s' else good os ps s')
      /\ exists np', tab s' !! p = Some np' /\ nlink np' = nlink np /\ is_dir_inode np' = true
         /\ subdirs (tab s') np' = subdirs (tab s) np + if is_dir_inode nd then 1 else 0)) as Hw'.
    { apply (add_node_spec H root q p n np dv); auto. intros t i. apply node_of_fresh. }
    unfold add_node, mk in Hw'. unfold wp, op_bind in Hw' |- *. destruct (alloc_ino s) as [[s1 [i1|e1]]|]; [|by destruct Hw' as (? & ? & ? & _)|done].
    assert (forall t i, (if type_bits node =? S_IFDIR then new_inode t (Dir new_entries) (l_mode node) (l_uid node) (l_gid node) 2 dv i
               else new_inode t (Special (type_bits node)) (l_mode node) (l_uid node) (l_gid node) 1 dv i) = node_of t node dv i) as En by done.
    rewrite Et in En. cbn [op_get] in *. rewrite En.
    destruct (insert_inode _ s1) as [[s2 [i2|e2]]|]; [|by destruct Hw' as (? & ? & ? & _)|done]. cbn [op_ret].
    destruct (add_entry p n i2 s2) as [[s3 [[|]|e3]]|]; try done; try (by destruct Hw' as (? & ? & ? & _)).
    destruct Hw' as (i & nd & _ & Hc & Hf & (t & ino & Hnd) & Hg & _).
    assert (is_dir_inode nd = false) as Hdn by (rewrite Hnd, <- Et; apply node_of_fresh).
    rewrite Hdn in Hg. split; [done|]. split; [done|]. exists i, nd. split_and!; [done|done|]. apply Hf.
Qed.

(** Everything that was there stays as it is. *)
Record extends (s s' : TmpfsState) : Prop := {
  x_tab : forall j n, tab s !! j = Some n -> tab s' !! j = Some n;
  x_roots : forall m r, mount_roots s !! m = Some (Some r) -> mount_roots s' !! m = Some (Some r) }.

Lemma extends_refl s : extends s s.
Proof. done. Qed.
Lemma extends_trans s1 s2 s3 : extends s1 s2 -> extends s2 s3 -> extends s1 s3.
Proof. intros [A1 A2] [B1 B2]. split; eauto. Qed.
#[global] Hint Resolve extends_refl : tmpfs.

Lemma extends_names s s' d m : extends s s' -> is_Some (tab s !! d) -> names s' d m = names s d m.
Proof. intros [E _] [n Hn]. unfold child. by rewrite Hn, (E d n Hn). Qed.

Lemma extends_find {os ps s s'} (H : good os ps s) r q : extends s s' -> is_Some (tab s !! r) -> find (names s') r q = find (names s) r q.
Proof.
  intros E. revert r. induction q as [|n q IH]; intros r Hr; [done|]. cbn. rewrite (extends_names s s') by done.
  destruct (names s r n) as [i|] eqn:Ei; [|done]. apply IH.
  destruct (f_child _ _ _ _ _ _ _ _ (holds_fs H) r n i Ei) as (_ & ni & _ & ? & _). eauto.
Qed.

Lemma root_live {X Y pend os ps s} (H : holds X Y pend os ps s) m r : mount_roots s !! m = Some (Some r) ->
  exists nr mt, tab s !! r = Some nr /\ is_dir_inode nr = true /\ SCRATCH_MOUNTS !! m = Some mt /\ dev nr = m_dev mt.
Proof. apply (f_root _ _ _ _ _ _ _ _ (holds_fs H)). Qed.
Lemma root_in {s m r} : mount_roots s !! m = Some (Some r) -> In (Some r) (mount_roots s).
Proof. intros E. apply list_elem_of_In, list_elem_of_lookup. eauto. Qed.

(** The layout goes below a root that is new. *)
Lemma layout_extends s0 s s' p n i nd : extends s0 s -> tab s0 !! p = None -> created s s' p n i nd -> extends s0 s'.
Proof.
  intros [E1 E2] Hp Hc. split.
  - intros j x Hj. rewrite (c_other _ _ _ _ _ _ Hc); [auto|congruence|]. intros ->. apply E1 in Hj.
    rewrite (c_fresh _ _ _ _ _ _ Hc) in Hj. done.
  - intros m r Hr. rewrite (c_roots _ _ _ _ _ _ Hc). auto.
Qed.

(** One more node, with what the next one needs. *)
Lemma layout_next {os ps s0 s} (H : good os ps s) root node nodes dv q n p np Q : In (Some root) (mount_roots s) ->
  extends s0 s -> tab s0 !! p = None ->
  split_components (l_path node) = q ++ [n] -> find (names s) root q = Some p -> tab s !! p = Some np ->
  is_dir_inode np = true -> dev np = dv -> names s p n = None -> n <> [] /\ ~ In slash n ->
  (forall s' i nd np', good os ps s' -> extends s0 s' -> mount_roots s' = mount_roots s -> tab s0 !! i = None ->
     (forall d m, names s' d m = bind_name (names s) p n (Some i) d m) -> (forall m, names s i m = None) ->
     tab s' !! i = Some nd -> is_dir_inode nd = (type_bits node =? S_IFDIR) -> dev nd = dv ->
     tab s' !! p = Some np' -> is_dir_inode np' = true -> dev np' = dv -> i <> p ->
     wp (insert_layout root nodes dv) s' True Q) ->
  wp (insert_layout root (node :: nodes) dv) s True Q.
Proof.
  intros Hr He Hp0 Hs Hq Hp Hd Hv Hn Hname Hk. cbn [insert_layout].
  eapply wp_spec_bind; [by apply (layout_step H root node dv q n p np)|done| |by intros s' e (? & _)].
  intros s' [] (_ & Hg & i & nd & Hc & Hdn & Hvn).
  destruct (c_parent _ _ _ _ _ _ Hc np Hp) as (np' & E1 & E2 & E3).
  apply (Hk s' i nd np'); auto.
  - by apply (layout_extends s0 s s' p n i nd).
  - apply Hc.
  - destruct (tab s0 !! i) as [x|] eqn:Ex; [|done]. apply (x_tab _ _ He) in Ex. rewrite (c_fresh _ _ _ _ _ _ Hc) in Ex. done.
  - apply Hc.
  - intros m. unfold child. by rewrite (c_fresh _ _ _ _ _ _ Hc).
  - apply Hc.
  - congruence.
  - congruence.
  - intros ->. rewrite (c_fresh _ _ _ _ _ _ Hc) in Hp. done.
Qed.

Lemma exchange_layout {os ps s0 s} (H : good os ps s) root nr dv : In (Some root) (mount_roots s) -> extends s0 s ->
  tab s0 !! root = None -> tab s !! root = Some nr -> is_dir_inode nr = true -> dev nr = dv -> (forall n, names s root n = None) ->
  wp (insert_layout root EXCHANGE_LAYOUT dv) s True (fun s' x => x = Ok tt /\ good os ps s' /\ extends s0 s' /\ mount_roots s' = mount_roots s).
Proof.
  intros Hr He Hr0 Hn Hd Hv Hnone. unfold EXCHANGE_LAYOUT.
  assert (forall n, n <> [] -> existsb (Z.eqb slash) n = false -> n <> [] /\ ~ In slash n) as Hnm.
  { intros n Hne Hs. split; [done|]. intros Hin. assert (existsb (Z.eqb slash) n = true); [|congruence].
    apply existsb_exists. exists slash. split; [done|apply Z.eqb_refl]. }
  eapply (layout_next H root _ _ dv [] _ root nr); eauto. intros s1 i1 nd1 nr1 H1 X1 R1 I1 N1 _ _ _ _ P1 D1 V1 _.
  eapply (layout_next H1 root _ _ dv [] _ root nr1); eauto; [by rewrite R1|rewrite N1, bind_name_ne by (by intros [_ ?]); auto|].
  intros s2 i2 nd2 nr2 H2 X2 R2 I2 N2 _ _ _ _ P2 D2 V2 _.
  eapply (layout_next H2 root _ _ dv [] _ root nr2); eauto; [by rewrite R2, R1| |].
  { rewrite N2, bind_name_ne, N1, bind_name_ne by (by intros [_ ?]). auto. }
  intros s3 i3 nd3 nr3 H3 X3 R3 I3 N3 L3 P3' D3' V3' P3 D3 V3 Ne3.
  assert (find (names s3) root [[119;111;114;107]] = Some i3) as F3 by (cbn [find]; rewrite N3, bind_name_eq; done).
  eapply (layout_next H3 root _ _ dv [[119;111;114;107]] _ i3 nd3); eauto; [by rewrite R3, R2, R1| |].
  { rewrite N3, bind_name_ne by (by intros [? _]). apply L3. }
  intros s4 i4 nd4 nr4 H4 X4 R4 I4 N4 _ _ _ _ P4 D4 V4 Ne4.
  assert (exists nr', tab s4 !! root = Some nr' /\ is_dir_inode nr' = true /\ dev nr' = dv) as (nr' & Q1 & Q2 & Q3).
  { assert (In (Some root) (mount_roots s4)) as Hin by by rewrite R4, R3, R2, R1.
    apply list_elem_of_In, list_elem_of_lookup in Hin as [m Hm]. destruct (root_live H4 m root Hm) as (nr' & mt & ? & ? & Emt & Edv).
    exists nr'. split_and!; auto. assert (mount_roots s3 !! m = Some (Some root)) as Hm3 by by rewrite <- R4.
    destruct (root_live H3 m root Hm3) as (nr3' & mt3 & E1 & E2 & E3 & E4). congruence. }
  eapply (layout_next H4 root _ _ dv [] _ root nr'); eauto; [by rewrite R4, R3, R2, R1| |].
  { rewrite N4, bind_name_ne by (intros [E _]; congruence). rewrite N3, bind_name_ne, N2, bind_name_ne, N1, bind_name_ne by (by intros [_ ?]). auto. }
  intros s5 i5 nd5 nr5 H5 X5 R5 I5 N5 _ _ _ _ P5 D5 V5 _. cbn. split_and!; auto. by rewrite R5, R4, R3, R2, R1.
Qed.

(** The root of a mount, made on first use. *)
Definition mounted (m r : nat) (s : TmpfsState) : Prop := mount_roots s !! m = Some (Some r).

Lemma mount_root_spec {os ps s} (H : good os ps s) m :
  wp (mount_root m) s (forall r, ~ mounted m r s) (fun s' x => exists r, x = Ok r /\ good os ps s' /\ extends s s' /\ mounted m r s').
Proof.
  destruct (mount_roots s !! m) as [[r|]|] eqn:Em.
  { unfold wp. rewrite (root_ready s m r Em). exists r. auto with tmpfs. }
  2: { unfold wp, mount_root, op_bind, op_some, mounted. rewrite Em. by intros r. }
  eapply (wp_mono _ _ True); [|unfold mounted; by intros _ r; rewrite Em|intros s' x Hx; exact Hx].
  assert (is_Some (SCRATCH_MOUNTS !! m)) as [mt Hmt].
  { apply lookup_lt_is_Some. rewrite <- (f_mounts _ _ _ _ _ _ _ _ (holds_fs H)). by apply lookup_lt_Some in Em. }
  unfold mount_root. apply (wp_eq_bind _ _ s s None); [by rewrite Em|]. apply (wp_some_bind _ mt); [done|].
  apply wp_bind. unfold wp at 1, alloc_ino. destruct (checked_add _ _ _) as [next|]; [|done]. set (s1 := set_next_ino s next).
  apply wp_get_bind. set (nr := new_inode _ _ _ _ _ _ _ _).
  assert (good os ps s1) as H1 by exact H.
  assert (is_Some (mount_of_dev (m_dev mt))) as Hdv.
  { clear -Hmt. do 4 (destruct m as [|m]; [injection Hmt as <-; by eexists|]). done. }
  eapply wp_spec_bind; [apply (holds_new H1 nr); try done; intros e E; by injection E|done| |by intros s' e (i & ? & _)].
  intros s2 r (r' & E & H2 & (F1 & F2 & _) & Fb & Hr & Et). injection E as <-. change (tab s1) with (tab s) in *.
  change (mount_roots s1) with (mount_roots s) in F1.
  apply wp_modify_bind. set (s3 := set_roots s2 (<[m := Some r]> (mount_roots s2))).
  assert (tab s3 !! r = Some nr) as Hr3 by (change (tab s3) with (tab s2); rewrite Et; apply lookup_insert_eq).
  assert (good os ps s3) as H3.
  { destruct H2 as (S1 & S2 & S3). split; [done|]. split; [|done]. cbn [s3 set_roots mount_roots mount_bytes].
    apply (fs_mount S2 [] m mt r nr); auto. by rewrite F1. }
  assert (mounted m r s3) as Hm3.
  { unfold mounted, s3. cbn. apply list_lookup_insert_eq. rewrite F1. by apply lookup_lt_Some in Em. }
  assert (extends s s3) as X3.
  { split.
    - intros j n Hj. change (tab s3) with (tab s2). rewrite Et, lookup_insert_ne; [done|congruence].
    - intros m' r' Hm'. unfold s3. cbn. rewrite F1. rewrite list_lookup_insert_ne; [done|congruence]. }
  assert (wp (insert_layout r (layout mt) (m_dev mt)) s3 True
            (fun s' x => x = Ok tt /\ good os ps s' /\ extends s s' /\ mount_roots s' = mount_roots s3)) as HL.
  { assert (layout mt = [] \/ layout mt = EXCHANGE_LAYOUT) as [->| ->]; [|by cbn|].
    { clear -Hmt. do 4 (destruct m as [|m]; [injection Hmt as <-; auto|]). done. }
    apply (exchange_layout H3 r nr (m_dev mt)); auto; [by apply (root_in Hm3)|].
    intros n. unfold child. rewrite Hr3. done. }
  eapply wp_spec_bind; [exact HL|done| |by intros s' e (? & _)].
  intros s4 [] (_ & H4 & X4 & R4). cbn. exists r. split_and!; auto. unfold mounted. by rewrite R4.
Qed.

(** Where a path leads: the state the roots are made in, and the parent. *)
Record resolved (m root : nat) (comps : list (list Z)) (s : TmpfsState) (p : nat) (name : option (list Z)) (target : option nat) : Prop := {
  r_mounted : mounted m root s;
  r_at : match name with
         | None => comps = [] /\ p = root /\ target = Some root
         | Some n => exists q np e, comps = q ++ [n] /\ find (names s) root q = Some p /\ tab s !! p = Some np
                       /\ kind np = Dir e /\ target = names s p n
         end }.

Lemma resolve_spec {os ps s} (H : good os ps s) m comps :
  wp (resolve m comps) s (forall r, ~ mounted m r s) (fun s' x => good os ps s' /\ extends s s' /\ exists root, mounted m root s' /\
    match x with
    | Ok (p, name, target) => resolved m root comps s' p name target
    | Err e => (e = ENOENT \/ e = ENOTDIR) /\ find (names s') root comps = None
    end).
Proof.
  unfold resolve. eapply wp_spec_bind; [apply (mount_root_spec H)|done| |by intros s' e (r & ? & _)].
  intros s1 root (r & E & H1 & X1 & M1). injection E as <-.
  destruct comps as [|n q _] using rev_ind.
  { cbn. split_and!; auto. exists root. split; [done|]. by split. }
  rewrite last_snoc, removelast_last. apply wp_bind. unfold wp at 1, walk_from. pose proof (walk_spec s1 root q) as Hw.
  destruct (walk s1 root q) as [p|e].
  2: { split_and!; auto. exists root. split; [done|]. split; [tauto|]. rewrite find_snoc. by rewrite (proj1 Hw). }
  destruct (root_live H1 m root M1) as (nr & mt & Hr & _). destruct (find_dev H1 root q p nr Hr Hw) as (np & Hp & _).
  apply (wp_get_or p _ np); [done|]. destruct (kind np) as [e| | | |] eqn:Ek; cbn [wp op_ret op_err];
    (split; [done|]; split; [done|]; exists root; split; [done|]).
  { split; [done|]. exists q, np, e. split_and!; auto. unfold child. by rewrite Hp, Ek. }
  all: split; [tauto|]; rewrite find_snoc, Hw; unfold child; by rewrite Hp, Ek.
Qed.

(** The common start of an operation on a path. *)
Lemma target_live {os ps s} (H : good os ps s) m root comps p name i : resolved m root comps s p name (Some i) ->
  find (names s) root comps = Some i /\ is_Some (tab s !! i).
Proof.
  intros [M R]. destruct (root_live H m root M) as (nr & mt & Hr & _). destruct name as [n|].
  - destruct R as (q & np & e & -> & Hq & Hp & Hk & E).
    assert (find (names s) root (q ++ [n]) = Some i) as F by (rewrite find_snoc, Hq; done).
    split; [done|]. destruct (find_dev H root _ i nr Hr F) as (ni & ? & _). eauto.
  - destruct R as (-> & -> & E). injection E as ->. split; [done|]. eauto.
Qed.

(** ** The namespace

    What the mounts name: the inode of every path of components. *)
Definition at_path (s : TmpfsState) (m : nat) (q : list (list Z)) : option nat :=
  match mount_roots s !! m with Some (Some r) => find (names s) r q | _ => None end.

Lemma at_mounted s m r q : mounted m r s -> at_path s m q = find (names s) r q.
Proof. unfold mounted, at_path. by intros ->. Qed.

Lemma at_extends {os ps s s'} (H : good os ps s) m r q : extends s s' -> mounted m r s -> at_path s' m q = at_path s m q.
Proof.
  intros E M. destruct (root_live H m r M) as (nr & _ & Hr & _).
  rewrite (at_mounted s m r q M), (at_mounted s' m r q) by by apply (x_roots _ _ E). apply (extends_find H); eauto.
Qed.

Definition added (s s' : TmpfsState) (m : nat) (q : list (list Z)) (i : nat) : Prop :=
  forall m' q', at_path s' m' q' = if decide (m' = m /\ q' = q) then Some i else at_path s m' q'.
Definition removed (s s' : TmpfsState) (m : nat) (q : list (list Z)) : Prop :=
  forall m' q', at_path s' m' q' = if decide (m' = m /\ q `prefix_of` q') then None else at_path s m' q'.
(** [q] and everything below it is found below [q2] instead. *)
Definition moved (s s' : TmpfsState) (m : nat) (q q2 : list (list Z)) : Prop :=
  forall m' q', at_path s' m' q' =
    if decide (m' = m) then
      if decide (q2 `prefix_of` q') then at_path s m (q ++ drop (length q2) q')
      else if decide (q `prefix_of` q') then None else at_path s m q'
    else at_path s m' q'.

Section Namespace.
Context {X Y pend os ps : list nat} {s : TmpfsState} (H : holds X Y pend os ps s).
Context (m root : nat) (q : list (list Z)) (p : nat) (n : list Z).
Hypothesis M : mounted m root s.
Hypothesis Hq : find (names s) root q = Some p.
Hypothesis Hp : isd (tab s) p.

Let T := f_tree _ _ _ _ _ _ _ _ (holds_fs H).

Lemma root_dir m' r : mounted m' r s -> (In (Some r) (mount_roots s) \/ In r pend) /\ isd (tab s) r.
Proof.
  intros M'. destruct (root_live H m' r M') as (nr & mt & Hr & Hd & _). split; [left; by apply (root_in M')|].
  unfold isd, dirb. by rewrite Hr.
Qed.

Lemma root_unique m' : mounted m' root s -> m' = m.
Proof.
  intros M'. destruct (root_live H m root M) as (n1 & mt1 & E1 & _ & E2 & E3), (root_live H m' root M') as (n2 & mt2 & E4 & _ & E5 & E6).
  apply (mount_dev_unique m' m mt2 mt1); congruence.
Qed.

(** The paths that do not go through the name. *)
Lemma bind_elsewhere x r' m' q' : mounted m' r' s -> ~ (m' = m /\ (q ++ [n]) `prefix_of` q') ->
  find (bind_name (names s) p n x) r' q' = find (names s) r' q'.
Proof.
  intros M' Hno. destruct (root_dir m root M) as [A1 A2], (root_dir m' r' M') as [B1 B2].
  apply (find_bind_other T p n x root q); auto. intros q2 -> ->. apply Hno. split; [by apply root_unique|].
  exists q2. by rewrite <- app_assoc.
Qed.

Lemma bind_there x q2 : find (bind_name (names s) p n x) root ((q ++ [n]) ++ q2)
  = match x with Some i => find (bind_name (names s) p n x) i q2 | None => None end.
Proof.
  destruct (root_dir m root M) as [A1 A2]. rewrite <- app_assoc. cbn. by apply (find_bind_through T).
Qed.

Section After.
Context (s' : TmpfsState).
Hypothesis Hroots : mount_roots s' = mount_roots s.

Lemma added_bind i : (forall d k, names s' d k = bind_name (names s) p n (Some i) d k) -> names s p n = None ->
  (forall k, names s i k = None) -> i <> p -> added s s' m (q ++ [n]) i.
Proof.
  intros Hn Hnone Hi Hip m' q'. unfold at_path. rewrite Hroots. destruct (mount_roots s !! m') as [[r'|]|] eqn:M'.
  2,3: rewrite decide_False; [done|]; intros [-> _]; unfold mounted in M; congruence.
  rewrite (find_ext _ _ _ _ Hn). destruct (decide (m' = m /\ (q ++ [n]) `prefix_of` q')) as [[-> [q2 ->]]|Hno].
  - assert (r' = root) as -> by (unfold mounted in M; congruence). rewrite bind_there.
    rewrite find_bind_below. 2: { intros [|k q1]; cbn; [congruence|]. by rewrite Hi. }
    destruct q2 as [|k q2].
    + cbn. rewrite decide_True; [done|]. by rewrite app_nil_r.
    + cbn [find]. rewrite Hi, decide_False.
      * rewrite find_app, find_snoc, Hq, Hnone. done.
      * intros [_ E]. apply (f_equal length) in E. rewrite length_app in E. cbn in E. lia.
  - rewrite (bind_elsewhere _ r' m') by done. rewrite decide_False; [done|]. intros [-> ->]. by apply Hno.
Qed.

Lemma removed_bind : (forall d k, names s' d k = bind_name (names s) p n None d k) -> removed s s' m (q ++ [n]).
Proof.
  intros Hn m' q'. unfold at_path. rewrite Hroots. destruct (mount_roots s !! m') as [[r'|]|] eqn:M'.
  2,3: by destruct (decide _).
  rewrite (find_ext _ _ _ _ Hn). destruct (decide (m' = m /\ (q ++ [n]) `prefix_of` q')) as [[-> [q2 ->]]|Hno].
  - assert (r' = root) as -> by (unfold mounted in M; congruence). by rewrite bind_there.
  - by apply (bind_elsewhere _ r' m').
Qed.
End After.
End Namespace.

(** ** Creation *)

Definition proper_names (comps : list (list Z)) : Prop := forall c, In c comps -> c <> [] /\ ~ In slash c.

Lemma split_components_proper rel : proper_names (split_components rel).
Proof.
  intros c [H1 H2]%filter_In. split; [intros ->; by rewrite bool_decide_eq_true_2 in H2 |]. by apply (split_no_slash rel).
Qed.
#[global] Hint Resolve split_components_proper : tmpfs.

Lemma wp_mount_dev {B} m mt (k : Z -> op TmpfsState B) s P Q : SCRATCH_MOUNTS !! m = Some mt ->
  wp (k (m_dev mt)) s P Q -> wp (op_bind (mount_dev m) k) s P Q.
Proof. intros E. unfold wp, mount_dev, op_bind, op_some. by rewrite E. Qed.

Lemma resolved_parent {X Y pend os ps s} (H : holds X Y pend os ps s) m root comps p n target :
  resolved m root comps s p (Some n) target -> exists q np mt, comps = q ++ [n] /\ find (names s) root q = Some p
    /\ tab s !! p = Some np /\ is_dir_inode np = true /\ SCRATCH_MOUNTS !! m = Some mt /\ dev np = m_dev mt /\ target = names s p n.
Proof.
  intros [M (q & np & e & -> & Hq & Hp & Hk & E)]. destruct (root_live H m root M) as (nr & mt & Hr & _ & Hmt & Hv).
  destruct (find_dev H root q p nr Hr Hq) as (np' & Hp' & Hd'). exists q, np, mt. split_and!; auto; [|congruence].
  unfold is_dir_inode. by rewrite Hk.
Qed.

Lemma fresh_no_names s i : tab s !! i = None -> forall k, names s i k = None.
Proof. intros H k. unfold child. by rewrite H. Qed.

(** A new node at a path, or the error and nothing but roots changed. *)
Definition creates (os ps : list nat) (s : TmpfsState) (m : nat) (comps : list (list Z)) (s' : TmpfsState) (e : option Errno) (ok : Inode -> Prop) : Prop :=
  good os ps s' /\ exists s1 root, good os ps s1 /\ extends s s1 /\ mounted m root s1 /\
    match e with
    | Some e => s' = s1 /\ ((e = ENOENT \/ e = ENOTDIR) /\ at_path s1 m comps = None \/ e = EEXIST /\ is_Some (at_path s1 m comps))
    | None => exists i nd, at_path s1 m comps = None /\ added s1 s' m comps i /\ tab s1 !! i = None /\ tab s' !! i = Some nd /\ ok nd
                /\ mount_roots s' = mount_roots s1 /\ forall j nj, tab s1 !! j = Some nj -> is_dir_inode nj = false -> tab s' !! j = Some nj
    end.

Lemma creates_made os ps s s1 s' m root q p n np i nd ok : good os ps s1 -> good os ps s' -> extends s s1 -> mounted m root s1 ->
  find (names s1) root q = Some p -> tab s1 !! p = Some np -> is_dir_inode np = true -> names s1 p n = None ->
  created s1 s' p n i nd -> ok nd -> creates os ps s m (q ++ [n]) s' None ok.
Proof.
  intros H1 H' X1 M Hq Hp Hd Hn Hc Hok. split; [done|]. exists s1, root. split_and!; auto. exists i, nd.
  assert (isd (tab s1) p) as Hdp by (unfold isd, dirb; by rewrite Hp).
  assert (i <> p) as Hip by (intros ->; rewrite (c_fresh _ _ _ _ _ _ Hc) in Hp; done).
  split_and!; try apply Hc; auto.
  - rewrite (at_mounted _ _ _ _ M), find_snoc, Hq. done.
  - apply (added_bind H1 m root q p n M Hq Hdp s'); try apply Hc; auto. apply fresh_no_names, Hc.
  - intros j nj Hj Hdj. rewrite (c_other _ _ _ _ _ _ Hc); [done|congruence|].
    intros ->. rewrite (c_fresh _ _ _ _ _ _ Hc) in Hj. done.
Qed.

Section CreateNode.
Context {os ps : list nat} {s : TmpfsState} (H : good os ps s) (m : nat) (comps : list (list Z)) (Hprop : proper_names comps).

Lemma create_node_spec mk : (forall t dv i, fresh_node (mk t dv i) dv /\ is_dir_inode (mk t dv i) = false) ->
  wp (create_node m comps mk) s True (fun s' x =>
    creates os ps s m comps s' (match x with Ok _ => None | Err e => Some e end) (fun nd => exists t dv i, nd = mk t dv i)).
Proof.
  intros Hmk. unfold create_node. eapply wp_spec_bind; [apply (resolve_spec H)|done| |].
  2: { intros s1 e (H1 & X1 & root & M1 & He & Hf). split; [done|]. exists s1, root. split_and!; auto. left. by rewrite (at_mounted _ _ _ _ M1). }
  intros s1 [[p name] target] (H1 & X1 & root & M1 & R). destruct target as [i|].
  { cbn. destruct (target_live H1 m root comps p name i R) as [F _]. split; [done|]. exists s1, root. split_and!; auto.
    right. rewrite (at_mounted _ _ _ _ M1), F. split; [done|]. eauto. }
  destruct name as [n|]; [|destruct R as [_ (_ & _ & ?)]; done].
  destruct (resolved_parent H1 m root comps p n None R) as (q & np & mt & Ec & Hq & Hp & Hd & Hmt & Hv & Hn).
  cbn [ok_or op_lift]. apply wp_lift_bind. apply (wp_mount_dev m mt); [done|].
  eapply wp_spec_bind; [apply (add_node_spec H1 root q p n np (m_dev mt)); auto|done| |].
  - by apply (root_in M1).
  - apply Hprop. rewrite Ec. apply in_or_app. right. by left.
  - intros t i. apply Hmk.
  - intros s2 i (i' & nd & E & Hc & Hf & (t & ino & Hnd) & Hg & _). injection E as <-. cbn.
    assert (is_dir_inode nd = false) as Hdn by (rewrite Hnd; apply Hmk). rewrite Hdn in Hg. rewrite Ec.
    apply (creates_made os ps s s1 s2 m root q p n np i nd); eauto.
  - intros s2 e (i' & nd & ? & _). done.
Qed.

Lemma create_dir_spec mk : (forall t dv i, fresh_node (mk t dv i) dv /\ is_dir_inode (mk t dv i) = true) ->
  wp (do! made <- create_node m comps mk; add_link (fst made)) s True (fun s' x =>
    creates os ps s m comps s' (match x with Ok _ => None | Err e => Some e end) (fun nd => exists t dv i, nd = mk t dv i)).
Proof.
  intros Hmk. unfold create_node.
  apply wp_assoc.
  eapply wp_spec_bind; [apply (resolve_spec H)|done| |].
  2: { intros s1 e (H1 & X1 & root & M1 & He & Hf). split; [done|]. exists s1, root. split_and!; auto. left. by rewrite (at_mounted _ _ _ _ M1). }
  intros s1 [[p name] target] (H1 & X1 & root & M1 & R). destruct target as [i|].
  { cbn. destruct (target_live H1 m root comps p name i R) as [F _]. split; [done|]. exists s1, root. split_and!; auto.
    right. rewrite (at_mounted _ _ _ _ M1), F. split; [done|]. eauto. }
  destruct name as [n|]; [|destruct R as [_ (_ & _ & ?)]; done].
  destruct (resolved_parent H1 m root comps p n None R) as (q & np & mt & Ec & Hq & Hp & Hd & Hmt & Hv & Hn).
  assert (wp (do! i <- add_node p n (fun t i => mk t (m_dev mt) i); do! _ <- add_link p; op_ret i) s1 True (fun s' x => exists i nd, x = Ok i /\ created s1 s' p n i nd
    /\ fresh_node nd (m_dev mt) /\ (exists t ino, nd = mk t (m_dev mt) ino) /\ good os ps s')) as HW.
  { apply (add_dir_spec H1 root q p n np (m_dev mt)); auto; [by apply (root_in M1)|].
    apply Hprop. rewrite Ec. apply in_or_app. right. by left. }
  unfold mount_dev, wp, op_bind, op_some, op_lift, op_ret in *. cbn [ok_or]. rewrite Hmt.
  destruct (add_node p n _ s1) as [[s2 [i|e]]|]; [|by destruct HW as (? & ? & ? & _)|done]. cbn [fst].
  destruct (add_link p s2) as [[s3 [[]|e]]|]; [|by destruct HW as (? & ? & ? & _)|done].
  destruct HW as (i' & nd & E & Hc & Hf & (t & ino & Hnd) & Hg). injection E as <-. rewrite Ec.
  apply (creates_made os ps s s1 s3 m root q p n np i nd); eauto.
Qed.
End CreateNode.

(** ** Removal *)

Lemma wp_locate {B} path (k : nat * list (list Z) -> op TmpfsState B) s P Q :
  match match_mount path with
  | Some (m, rel) => wp (k (m, split_components rel)) s P Q
  | None => Q s (Err ENOENT)
  end -> wp (op_bind (locate path) k) s P Q.
Proof. unfold wp, locate, op_bind, op_lift. by destruct (match_mount path) as [[m rel]|]. Qed.

(** The subdirectories of a directory that loses or gains a name. *)
Lemma subdirs_change (t t' : Tab) np np' e e' i : kind np = Dir e -> kind np' = Dir e' -> children e ≡ₚ i :: children e' ->
  (forall j, dirb t' j = dirb t j) -> subdirs t np = subdirs t' np' + if dirb t i then 1 else 0.
Proof.
  intros E E' Hperm Hdb. unfold subdirs, kids. rewrite E, E', Hperm, cnt_cons.
  rewrite (cnt_ext (dirb t') (dirb t)) by auto. destruct (dirb t i); lia.
Qed.

Lemma dirb_detach (t : Tab) p np e j : t !! p = Some np -> is_dir_inode np = true ->
  dirb (<[p := with_kind np (Dir e)]> t) j = dirb t j.
Proof. intros H Hd. apply (dirb_put t p np); [done|]. by rewrite Hd. Qed.

(** The files other than [i] are untouched. *)
Definition files_kept (s s' : TmpfsState) (i : nat) : Prop :=
  forall j nj, j <> i -> tab s !! j = Some nj -> is_dir_inode nj = false -> tab s' !! j = Some nj.

(** A name goes, and with the last reference what it named. *)
Definition drops (os ps : list nat) (s : TmpfsState) (m : nat) (comps : list (list Z)) (s' : TmpfsState) (dir : bool) : Prop :=
  good os ps s' /\ exists s1 root i n, good os ps s1 /\ extends s s1 /\ mounted m root s1 /\ at_path s1 m comps = Some i
    /\ tab s1 !! i = Some n /\ is_dir_inode n = dir /\ removed s1 s' m comps /\ mount_roots s' = mount_roots s1 /\ files_kept s1 s' i
    /\ (if dir then tab s' !! i = None
        else let n' := with_nlink n (nlink n - 1) in tab s' !! i = if unreferenced n' then None else Some n').

Section Remove.
Context {os ps : list nat} {s1 : TmpfsState} (H : good os ps s1) (m root : nat) (comps : list (list Z)) (p : nat) (name : list Z) (i : nat).
Context (R : resolved m root comps s1 p (Some name) (Some i)).

Lemma remove_file_spec n : tab s1 !! i = Some n -> is_dir_inode n = false ->
  exists s2 s3, drop_entry p name s1 = Some (s2, Ok tt) /\ (do! _ <- drop_link i; maybe_free i) s2 = Some (s3, Ok tt)
    /\ drops os ps s1 m comps s3 false.
Proof.
  intros Hi Hd. destruct (resolved_parent H m root comps p name (Some i) R) as (q & np & mt & Ec & Hq & Hp & Hdp & Hmt & Hv & Hn).
  destruct (holds_detach H p name i (eq_sym Hn)) as (np0 & e & s2 & Hp0 & He & E2 & H2 & F2 & B2 & T2 & N2 & Hperm).
  assert (np0 = np) as -> by congruence. set (np' := with_kind np (Dir (fst (remove_name name e)))) in *.
  assert (p <> i) as Hpi by (intros ->; congruence).
  assert (forall j, dirb (tab s2) j = dirb (tab s1) j) as Hdb by (intros j; rewrite T2; by apply dirb_detach).
  assert (holds [] [] [i] os ps s2) as H2'.
  { apply (holds_same_nlink H2 p np'); auto; [by rewrite T2, lookup_insert_eq|].
    pose proof (subdirs_change (tab s1) (tab s2) np np' e _ i He eq_refl Hperm Hdb) as Hs.
    assert (dirb (tab s1) i = false) as Hdi by (unfold dirb; by rewrite Hi). rewrite Hdi in Hs.
    change (nlink np') with (nlink np). rewrite (nlink_exact H p np Hp Hdp). lia. }
  assert (tab s2 !! i = Some n) as Hi2 by (rewrite T2, lookup_insert_ne; done).
  destruct (holds_release H2' i [] n eq_refl Hi2 Hd) as (s3 & E3 & H3 & F3 & T3). cbv zeta in T3.
  exists s2, s3. split; [done|]. split; [done|]. split; [done|]. exists s1, root, i, n.
  assert (isd (tab s1) p) as Hdp' by (unfold isd, dirb; by rewrite Hp).
  assert (mount_roots s3 = mount_roots s1) as Hr3 by by rewrite (proj1 F3), (proj1 F2).
  split_and!; auto with tmpfs; try apply R.
  - rewrite (at_mounted _ _ _ _ (r_mounted _ _ _ _ _ _ _ R)). apply (proj1 (target_live H m root comps p (Some name) i R)).
  - rewrite Ec. apply (removed_bind H m root q p name (r_mounted _ _ _ _ _ _ _ R) Hq Hdp' s3 Hr3). intros d k. rewrite <- N2.
    rewrite T3. destruct (unreferenced _).
    + unfold child. destruct (decide (d = i)) as [->|Hne]; [|by rewrite lookup_delete_ne]. rewrite lookup_delete_eq, Hi2.
      unfold is_dir_inode in Hd. by destruct (kind n).
    + rewrite (child_put _ i n) by done. case_decide as Hdi; [|done]. subst d. unfold child. rewrite Hi2. done.
  - intros j nj J1 J2 J3. rewrite T3. destruct (unreferenced _).
    + rewrite lookup_delete_ne, T2, lookup_insert_ne; [done|congruence|done].
    + rewrite lookup_insert_ne, T2, lookup_insert_ne; [done|congruence|done].
  - cbv zeta. rewrite T3. destruct (unreferenced _); [apply lookup_delete_eq|apply lookup_insert_eq].
Qed.

(** A directory taken out of its parent, which loses a link. *)
Lemma detach_dir_spec n : tab s1 !! i = Some n -> is_dir_inode n = true ->
  exists s2, (do! _ <- drop_entry p name; drop_link p) s1 = Some (s2, Ok tt) /\ holds [] [] [i] os ps s2 /\ frees s1 s2
    /\ (forall d k, names s2 d k = bind_name (names s1) p name None d k) /\ p <> i
    /\ (forall j, j <> p -> tab s2 !! j = tab s1 !! j) /\ (forall j, dirb (tab s2) j = dirb (tab s1) j).
Proof.
  intros Hi Hd. destruct (resolved_parent H m root comps p name (Some i) R) as (q & np & mt & Ec & Hq & Hp & Hdp & Hmt & Hv & Hn).
  destruct (holds_detach H p name i (eq_sym Hn)) as (np0 & e & s2 & Hp0 & He & E2 & H2 & F2 & B2 & T2 & N2 & Hperm).
  assert (np0 = np) as -> by congruence. set (np' := with_kind np (Dir (fst (remove_name name e)))) in *.
  assert (dirb (tab s1) i = true) as Hdi by (unfold dirb; by rewrite Hi).
  assert (p <> i) as Hpi by (intros ->; by apply (no_cycle (f_tree _ _ _ _ _ _ _ _ (holds_fs H)) i name i [])).
  assert (forall j, dirb (tab s2) j = dirb (tab s1) j) as Hdb by (intros j; rewrite T2; by apply dirb_detach).
  assert (tab s2 !! p = Some np') as Hp2 by (by rewrite T2, lookup_insert_eq).
  pose proof (subdirs_change (tab s1) (tab s2) np np' e _ i He eq_refl Hperm Hdb) as Hs. rewrite Hdi in Hs.
  pose proof (nlink_exact H p np Hp Hdp) as Hnl.
  set (np2 := with_nlink np' (saturating_sub (nlink np') 1)).
  assert (saturating_sub (nlink np') 1 = 2 + subdirs (tab s2) np') as Esat.
  { change (nlink np') with (nlink np). unfold saturating_sub. pose proof (cnt_nonneg (dirb (tab s2)) (kids np')). unfold subdirs in *. lia. }
  assert (tab (put s2 p np2) = <[p := np2]> (tab s2)) as T3 by by apply (tab_put s2 p np').
  exists (put s2 p np2). split_and!; [|by apply (holds_nlink H2 p np')|done| |done| |].
  - rewrite (bind_ok _ _ s1 s2 tt E2). unfold drop_link, op_modify. by rewrite (modify_put s2 p _ np').
  - intros d k. rewrite <- N2, T3, (child_put _ p np') by done. case_decide as Hdd; [subst d|done]. unfold child. by rewrite Hp2.
  - intros j Hj. rewrite T3, lookup_insert_ne, T2, lookup_insert_ne; done.
  - intros j. rewrite T3, (dirb_put (tab s2) p np'); done.
Qed.

(** An empty directory. *)
Lemma remove_dir_spec n e0 : tab s1 !! i = Some n -> kind n = Dir e0 -> no_entries e0 = true ->
  exists s2, (do! _ <- drop_entry p name; do! _ <- drop_link p; do! _ <- set_nlink i 0; maybe_free i) s1 = Some (s2, Ok tt)
    /\ drops os ps s1 m comps s2 true.
Proof.
  intros Hi Hk Hempty. destruct (resolved_parent H m root comps p name (Some i) R) as (q & np & mt & Ec & Hq & Hp & Hdp & Hmt & Hv & Hn).
  assert (is_dir_inode n = true) as Hd by (unfold is_dir_inode; by rewrite Hk).
  destruct (detach_dir_spec n Hi Hd) as (s3 & E3 & H3 & F3 & N3 & Hpi & K3 & _).
  destruct (no_entries_children e0 Hempty) as [Hch Hby].
  assert (tab s3 !! i = Some n) as Hi3 by (rewrite K3; done).
  destruct (holds_discard H3 i [] n eq_refl Hi3 Hd) as (s4 & E4 & H4 & F4 & T4).
  { unfold kids. by rewrite Hk. }
  exists s4. split.
  { unfold op_bind in E3, E4 |- *. destruct (drop_entry p name s1) as [[sa [a|a]]|]; try done. by rewrite E3. }
  split; [done|]. exists s1, root, i, n.
  assert (isd (tab s1) p) as Hdp' by (unfold isd, dirb; by rewrite Hp).
  assert (mount_roots s4 = mount_roots s1) as Hr4 by (rewrite (proj1 F4); exact (proj1 F3)).
  split_and!; auto with tmpfs; try apply R.
  - rewrite (at_mounted _ _ _ _ (r_mounted _ _ _ _ _ _ _ R)). apply (proj1 (target_live H m root comps p (Some name) i R)).
  - rewrite Ec. apply (removed_bind H m root q p name (r_mounted _ _ _ _ _ _ _ R) Hq Hdp' s4 Hr4). intros d k. rewrite <- N3, T4.
    unfold child. destruct (decide (d = i)) as [->|Hne]; [|by rewrite lookup_delete_ne]. rewrite lookup_delete_eq, Hi3, Hk.
    unfold get_name. by rewrite Hby, lookup_empty.
  - intros j nj J1 J2 J3. assert (j <> p) by congruence. rewrite T4, lookup_delete_ne, K3; done.
  - rewrite T4. apply lookup_delete_eq.
Qed.
End Remove.
