(* ===== verification/TmpfsMove.v ===== *)
(** * Links, renames and removal of trees in the in-memory file system *)

From S2P Require Import Prelude Path NameTree Tmpfs TmpfsInv TmpfsSteps TmpfsOps.
From Stdlib Require Import Permutation.

(** ** Canonical paths

    The callers pass paths that Path.v's [normalize_path] leaves alone. *)
Definition canonical (path : list Z) : Prop := exists cs, (forall c, In c cs -> proper c) /\ path = render cs.

Lemma normalize_canonical path : canonical (normalize_path path).
Proof. exists (components path). split; [apply components_proper | done]. Qed.

Lemma split_app path x : split (path ++ slash :: x) = split path ++ split x.
Proof.
  induction path as [|b path IH]; [done|]. cbn [app split]. rewrite IH. destruct (b =? slash); [done|].
  destruct (split path) as [|c cs] eqn:E; [|done]. destruct path as [|b' path']; [done|]. cbn in E.
  destruct (b' =? slash); [done|]. by destruct (split path').
Qed.

Lemma join_app cs cs' : join (cs ++ cs') = join cs ++ join cs'.
Proof. unfold join. by rewrite map_app, concat_app. Qed.

Lemma join_split x : join (split x) = slash :: x.
Proof.
  induction x as [|b x IH]; [done|]. cbn [split]. destruct (Z.eqb_spec b slash) as [->|Hb].
  - cbn [join map concat app]. unfold join in IH. by rewrite IH.
  - destruct (split x) as [|c cs] eqn:E.
    + destruct x as [|b' x']; [done|]. cbn in E. destruct (b' =? slash); [done|]. by destruct (split x').
    + cbn [join map concat app] in IH |- *. injection IH as IH. by rewrite IH.
Qed.

Lemma match_from_sound i ms path best k rel :
  (forall k rel, best = Some (k, rel) -> exists m, SCRATCH_MOUNTS !! k = Some m /\ path = prefix m ++ rel /\ (rel = [] \/ exists x, rel = slash :: x)) ->
  (forall j m, ms !! j = Some m -> SCRATCH_MOUNTS !! (i + j)%nat = Some m) ->
  match_from i ms path best = Some (k, rel) ->
  exists m, SCRATCH_MOUNTS !! k = Some m /\ path = prefix m ++ rel /\ (rel = [] \/ exists x, rel = slash :: x).
Proof.
  revert i best. induction ms as [|m ms IH]; intros i best Hb Hms; cbn [match_from]; [apply Hb|]. apply IH.
  - intros k0 rel0. destruct (_ && _) eqn:E; [|apply Hb]. intros E'. injection E' as <- <-. apply andb_true_iff in E as [E _].
    exists m. split; [specialize (Hms 0%nat m eq_refl); by rewrite Nat.add_0_r in Hms|].
    apply orb_true_iff in E as [E|E]; [apply bool_decide_eq_true in E; subst; rewrite drop_all, app_nil_r; auto|].
    unfold below, starts_with in E. apply andb_true_iff in E as [[_ E2]%andb_true_iff E3].
    apply bool_decide_eq_true in E2, E3.
    split; [by rewrite <- E2 at 1; rewrite take_drop|]. right. exists (drop (S (length (prefix m))) path).
    rewrite <- (take_drop_middle path _ _ E3) at 1. rewrite drop_app_ge; rewrite length_take_le; try (apply lookup_lt_Some in E3; lia).
    by rewrite Nat.sub_diag.
  - intros j m' Hj. specialize (Hms (S j) m' Hj). by rewrite Nat.add_succ_comm.
Qed.

Lemma match_mount_sound path k rel : match_mount path = Some (k, rel) ->
  exists m, SCRATCH_MOUNTS !! k = Some m /\ path = prefix m ++ rel /\ (rel = [] \/ exists x, rel = slash :: x).
Proof. apply match_from_sound; [done|]. by intros j m H. Qed.

(** A canonical path below a mount is its prefix and its components. *)
Lemma canonical_place path m rel : canonical path -> match_mount path = Some (m, rel) ->
  exists mt, SCRATCH_MOUNTS !! m = Some mt /\ path = prefix mt ++ join (split_components rel).
Proof.
  intros (cs & Hcs & ->) Hm. destruct (match_mount_sound _ _ _ Hm) as (mt & Hmt & Hp & Hrel). exists mt. split; [done|].
  rewrite Hp. f_equal. destruct Hrel as [->|[x ->]]; [done|].
  assert (cs <> []) as Hne.
  { intros ->. cbn in Hp. apply (f_equal length) in Hp. rewrite length_app in Hp. cbn in Hp.
    clear -Hmt Hp. do 4 (destruct m as [|m]; [injection Hmt as <-; cbn in Hp; lia|]). done. }
  unfold render in Hp. rewrite bool_decide_eq_false_2 in Hp by done.
  assert (split (join cs) = split (prefix mt) ++ split x) as Hs by (rewrite Hp; apply split_app).
  rewrite split_join in Hs by (intros c Hc; by apply Hcs).
  assert (forall c, In c (split x) -> c <> []) as Hx.
  { intros c Hc ->. assert (In [] (tl ([] :: cs))) as Hin.
    { rewrite Hs. destruct (split (prefix mt)) as [|y ys] eqn:Ey; [|cbn; apply in_or_app; auto].
      clear -Hmt Ey. do 4 (destruct m as [|m]; [injection Hmt as <-; by vm_compute in Ey|]). done. }
    cbn in Hin. by apply Hcs in Hin as [? _]. }
  unfold split_components. cbn [split]. rewrite Z.eqb_refl. cbn [List.filter].
  rewrite bool_decide_eq_true_2 by done. cbn [negb].
  assert (List.filter (fun c => negb (bool_decide (c = []))) (split x) = split x) as ->.
  { clear -Hx. induction (split x) as [|c l IH]; [done|]. cbn. rewrite bool_decide_eq_false_2 by (apply Hx; by left). cbn.
    f_equal. apply IH. intros c' Hc'. apply Hx. by right. }
  by rewrite join_split.
Qed.

(** Components below components are bytes below bytes. *)
Lemma below_components p1 p2 m rel1 rel2 x r : canonical p1 -> canonical p2 -> match_mount p1 = Some (m, rel1) ->
  match_mount p2 = Some (m, rel2) -> split_components rel2 = split_components rel1 ++ x :: r -> below p1 p2 = true.
Proof.
  intros C1 C2 M1 M2 E. destruct (canonical_place _ _ _ C1 M1) as (mt & H1 & E1), (canonical_place _ _ _ C2 M2) as (mt' & H2 & E2).
  assert (mt' = mt) as -> by congruence. rewrite E, join_app, app_assoc, <- E1 in E2. rewrite E2. unfold below, starts_with.
  cbn [join map concat app]. rewrite take_app_length, bool_decide_eq_true_2 by done.
  rewrite bool_decide_eq_true_2 by (rewrite lookup_app_r, Nat.sub_diag; done).
  rewrite (proj2 (Nat.ltb_lt _ _)); [done|]. rewrite length_app. cbn. lia.
Qed.

(** ** Links *)

(** One more reference to a file, by a name still to come. *)
Lemma holds_link {X Y pend os ps s} (H : holds X Y pend os ps s) i n : tab s !! i = Some n -> is_dir_inode n = false ->
  holds X Y (i :: pend) os ps (put s i (with_nlink n (nlink n + 1))).
Proof.
  intros Hi Hd. apply (holds_put H _ _ _ _ _ i n _ Hi). destruct (f_refs _ _ _ _ _ _ _ _ (holds_fs H) i n Hi) as (R1 & R2 & _).
  destruct (f_file _ _ _ _ _ _ _ _ (holds_fs H) i n Hi Hd) as (G1 & G2).
  apply (fs_put (holds_fs H) X Y (i :: pend) os ps (mount_bytes s) i n); try done.
  - intros j Hj. split_and!; auto. rewrite occ_cons, decide_False by done. lia.
  - rewrite Hd. cbn [nlink with_nlink with_refs]. rewrite occ_cons, decide_True by done. split; [lia|]. intros _.
    unfold unreferenced. cbn [nlink with_nlink with_refs]. pose proof (links_nonneg (tab s) i). pose proof (cnt_nonneg (Nat.eqb i) pend).
    unfold occ in G1. rewrite (proj2 (Z.eqb_neq _ _)) by lia. done.
  - eapply accounts_ext; [|apply (f_bytes _ _ _ _ _ _ _ _ (holds_fs H))]. intros d.
    change (bytes_of (with_nlink n (nlink n + 1))) with (bytes_of n). lia.
Qed.

Lemma put_commute s i j n n' : i <> j -> put (put s i n) j n' = put (put s j n') i n.
Proof. intros Hne. unfold put, set_inodes. cbn. by rewrite list_insert_insert_ne. Qed.

Lemma file_no_names s i n : tab s !! i = Some n -> is_dir_inode n = false -> forall k, names s i k = None.
Proof. intros Hi Hd k. unfold child. rewrite Hi. unfold is_dir_inode in Hd. by destruct (kind n). Qed.

(** The names are unchanged when an inode without names changes or goes. *)
Lemma names_leaf s s' i : (forall k, names s i k = None) -> (forall j, j <> i -> tab s' !! j = tab s !! j) ->
  (forall k, names s' i k = None) -> forall d k, names s' d k = names s d k.
Proof.
  intros H1 H2 H3 d k. destruct (decide (d = i)) as [->|Hne]; [by rewrite H1, H3|]. unfold child. by rewrite H2.
Qed.

Section Link.
Context {os ps : list nat} {s : TmpfsState} (H : good os ps s) (m root : nat) (comps : list (list Z)) (p : nat) (name : list Z).
Context (R : resolved m root comps s p (Some name) None) (Hname : name <> [] /\ ~ In slash name).

Lemma add_entry_link_spec i n : tab s !! i = Some n -> is_dir_inode n = false -> (forall np, tab s !! p = Some np -> dev n = dev np) ->
  wp (do! added <- add_entry p name i; if added : bool then do! _ <- add_link i; do! t <- op_get now; op_modify (modify i (touch_changed t)) else op_err ENOTDIR)
    s True (fun s' x => x = Ok tt /\ good os ps s' /\ added s s' m comps i /\ mount_roots s' = mount_roots s
      /\ tab s' !! i = Some (touch_changed (now s) (with_nlink n (nlink n + 1))) /\ files_kept s s' i).
Proof.
  intros Hi Hd Hdev. destruct (resolved_parent H m root comps p name None R) as (q & np & mt & Ec & Hq & Hp & Hdp & Hmt & Hv & Hn).
  assert (p <> i) as Hpi by (intros ->; congruence).
  assert (exists e, kind np = Dir e) as [e Ek] by (unfold is_dir_inode in Hdp; destruct (kind np); try done; eauto).
  pose proof (holds_link H i n Hi Hd) as H1. set (n1 := with_nlink n (nlink n + 1)) in *. set (s1 := put s i n1) in *.
  assert (tab s1 = <[i := n1]> (tab s)) as T1 by by apply (tab_put s i n).
  assert (tab s1 !! i = Some n1) as Hi1 by (rewrite T1; apply lookup_insert_eq).
  assert (tab s1 !! p = Some np) as Hp1 by (rewrite T1, lookup_insert_ne; done).
  assert (forall d k, names s1 d k = names s d k) as N1.
  { intros d k. rewrite T1, (child_put _ i n) by done. case_decide as E; [subst d|done]. rewrite (file_no_names s i n) by done.
    unfold is_dir_inode in Hd. change (kind n1) with (kind n). by destruct (kind n). }
  assert (get_name name e = None) as Hgn by (unfold child in Hn; by rewrite Hp, Ek in Hn).
  pose proof (holds_attach H1 p name i [] np e n1 root q) as HA. specialize (HA eq_refl Hp1 Ek Hgn Hi1 (Hdev np Hp) (proj1 Hname) (proj2 Hname)).
  specialize (HA (root_in (r_mounted _ _ _ _ _ _ _ R)) ltac:(by rewrite (find_ext (names s) (names s1)))).
  unfold add_entry, wp in HA. rewrite <- tab_get, Hp1, Ek in HA.
  unfold wp, op_bind, add_entry. rewrite <- tab_get, Hp, Ek. destruct (insert_name name i e) as [[e' o]|]; [|done].
  destruct HA as (_ & e'' & H2 & F2 & B2 & T2 & N2 & Hperm). set (np' := with_kind np (Dir e')) in *.
  unfold add_link. rewrite <- tab_get, (tab_put s p np), lookup_insert_ne, Hi by done. unfold checked_add.
  destruct (_ <=? u32_max); [|done]. unfold op_get, op_modify. rewrite (put_commute s p i) by done.
  change (with_nlink n (nlink n + 1)) with n1. fold s1. set (s2 := put s1 p np') in *.
  assert (tab s2 = <[p := np']> (tab s1)) as T2' by by apply (tab_put s1 p np).
  assert (tab s2 !! i = Some n1) as Hi2 by (rewrite T2', lookup_insert_ne; done).
  assert (tab s2 !! p = Some np') as Hp2 by (rewrite T2'; apply lookup_insert_eq).
  assert (good os ps s2) as H2'.
  { apply (holds_same_nlink H2 p np'); auto.
    pose proof (subdirs_change (tab s2) (tab s1) np' np e' e i eq_refl Ek) as Hs. rewrite Hs.
    - assert (dirb (tab s2) i = false) as -> by (unfold dirb; by rewrite Hi2).
      change (nlink np') with (nlink np). rewrite (nlink_exact H p np Hp Hdp).
      rewrite (subdirs_ext (tab s) (tab s1)); [lia|]. intros j. rewrite T1. by apply (dirb_put (tab s) i n).
    - assert (e'' = e') as ->; [|done]. rewrite T2' in T2. apply (f_equal (fun t : Tab => t !! p)) in T2. rewrite !lookup_insert_eq in T2.
      injection T2. congruence.
    - intros j. rewrite T2'. symmetry. by apply (dirb_put (tab s1) p np). }
  rewrite (modify_put s2 i _ n1) by done. change (now s2) with (now s). set (n2 := touch_changed (now s) n1).
  assert (tab (put s2 i n2) = <[i := n2]> (tab s2)) as T3 by by apply (tab_put s2 i n1).
  split; [done|]. split; [by apply (holds_meta H2' i n1)|]. split; [|split; [done|split]].
  - rewrite Ec. apply (added_bind H m root q p name (r_mounted _ _ _ _ _ _ _ R) Hq ltac:(unfold isd, dirb; by rewrite Hp)); auto.
    + intros d k. rewrite T3, (child_put _ i n1) by done. case_decide as E; [subst d|].
      * rewrite (bind_name_ne _ p name _ i k) by (intros [? _]; done). rewrite (file_no_names s i n) by done.
        unfold is_dir_inode in Hd. change (kind n2) with (kind n). by destruct (kind n).
      * rewrite N2. unfold bind_name. by rewrite N1.
    + by apply (file_no_names s i n).
  - rewrite T3. apply lookup_insert_eq.
  - intros j nj J1 J2 J3. rewrite T3, lookup_insert_ne, T2', lookup_insert_ne, T1, lookup_insert_ne; congruence.
Qed.
End Link.

(** Below a mount that is in use nothing is created on the way. *)
Lemma resolve_mounted {os ps s} (H : good os ps s) m root comps : mounted m root s ->
  wp (resolve m comps) s False (fun s' x => s' = s /\
    match x with
    | Ok (p, name, target) => resolved m root comps s p name target
    | Err e => (e = ENOENT \/ e = ENOTDIR) /\ at_path s m comps = None
    end).
Proof.
  intros M. pose proof (resolve_spec H m comps) as HR. rewrite (at_mounted s m root comps M).
  assert (forall s' x, resolve m comps s = Some (s', x) -> s' = s) as Hs.
  { intros s' x. unfold resolve, op_bind. rewrite (root_ready s m root M). destruct (last comps) as [n|]; [|unfold op_ret; congruence].
    unfold walk_from. destruct (walk s root (removelast comps)) as [p|]; [|congruence].
    unfold get_or, op_bind, op_get, op_lift. destruct (ok_or (get s p) ENOENT) as [np|]; [|congruence].
    destruct (kind np); unfold op_ret, op_err; congruence. }
  unfold wp in *. destruct (resolve m comps s) as [[s' x]|]; [|by apply (HR root)].
  specialize (Hs s' x eq_refl). destruct HR as (_ & _ & root' & M' & HR). split; [done|].
  rewrite Hs in M', HR. unfold mounted in M, M'. assert (root' = root) as -> by congruence. destruct x as [[[p name] target]|e]; done.
Qed.

(** A second name for a file. *)
Definition linked (os ps : list nat) (s : TmpfsState) (m : nat) (c1 c2 : list (list Z)) (s' : TmpfsState) : Prop :=
  good os ps s' /\ exists s1 i n, good os ps s1 /\ extends s s1 /\ at_path s1 m c1 = Some i /\ tab s1 !! i = Some n /\ is_dir_inode n = false
    /\ at_path s1 m c2 = None /\ added s1 s' m c2 i /\ tab s' !! i = Some (touch_changed (now s1) (with_nlink n (nlink n + 1)))
    /\ mount_roots s' = mount_roots s1 /\ files_kept s1 s' i.

Lemma find_name_dev {os ps s} (H : good os ps s) root c1 c2 i j n1 n2 : is_Some (tab s !! root) -> find (names s) root c1 = Some i ->
  find (names s) root c2 = Some j -> tab s !! i = Some n1 -> tab s !! j = Some n2 -> dev n1 = dev n2.
Proof.
  intros [nr Hr] F1 F2 Hi Hj. destruct (find_dev H root c1 i nr Hr F1) as (x & ? & ?), (find_dev H root c2 j nr Hr F2) as (y & ? & ?). congruence.
Qed.

Lemma link_spec {os ps s} (H : good os ps s) old_path new_path :
  wp (link old_path new_path) s True (fun s' x => good os ps s' /\
    match x with
    | Err e => extends s s'
    | Ok _ => exists m rel1 rel2, match_mount old_path = Some (m, rel1) /\ match_mount new_path = Some (m, rel2)
                /\ linked os ps s m (split_components rel1) (split_components rel2) s'
    end).
Proof.
  unfold link. apply wp_locate. destruct (match_mount old_path) as [[m rel1]|] eqn:M1; [|auto with tmpfs].
  apply wp_locate. destruct (match_mount new_path) as [[m2 rel2]|] eqn:M2; [|auto with tmpfs]. cbn [fst snd].
  destruct (Nat.eqb_spec m m2) as [<-|]; cbn [negb]; [|cbn; auto with tmpfs].
  case_bool_decide; [cbn; auto with tmpfs|].
  eapply wp_spec_bind; [apply (mount_root_spec H m)|done| |by intros s' e (r & ? & _)].
  intros s1 root (r & E & H1 & X1 & Mr). injection E as <-.
  apply wp_bind. unfold wp at 1, walk_from. pose proof (walk_spec s1 root (split_components rel1)) as Hw.
  destruct (walk s1 root (split_components rel1)) as [i|e]; [|auto].
  destruct (root_live H1 m root Mr) as (nr & mt & Hr & _). destruct (find_dev H1 root _ i nr Hr Hw) as (n & Hi & Edev).
  apply (wp_get_or i _ n); [done|]. destruct (is_dir_inode n) eqn:Hd; [cbn; auto|].
  eapply wp_spec_bind; [apply (resolve_mounted H1 m root (split_components rel2) Mr)|done| |].
  2: { intros s' e [-> _]. auto. }
  intros s' [[p name] target] [-> R]. destruct target as [x|]; [cbn; auto|].
  destruct name as [name|]; [|by destruct R as [_ (_ & _ & ?)]]. cbn [ok_or op_lift]. apply wp_lift_bind.
  destruct (resolved_parent H1 m root _ p name None R) as (q & np & mt' & Ec & Hq & Hp & _ & _ & _ & Hn).
  eapply wp_mono; [apply (add_entry_link_spec H1 m root (split_components rel2) p name R) with (i := i) (n := n); auto|done|].
  - apply (split_components_proper rel2). rewrite Ec. apply in_or_app. right. by left.
  - intros np0 E. assert (np0 = np) as -> by congruence. eapply (find_name_dev H1 root _ q i p); eauto.
  - intros s' x (-> & H' & A & Rs & T & K). split; [done|]. exists m, rel1, rel2. split_and!; auto. split; [done|].
    exists s1, i, n. split_and!; auto; rewrite (at_mounted _ _ _ _ Mr); [done|].
    rewrite Ec, find_snoc, Hq. done.
Qed.

(** ** Renames *)

(** The move itself: one name out, one name in, the link counts of both
    directories brought up to date. [X] is what replacing the destination left
    out of date. *)
Section Move.
Context {X os ps : list nat} {s : TmpfsState} (H : holds X [] [] os ps s).
Context (m root : nat) (q1 : list (list Z)) (op_ : nat) (on : list Z) (t : nat) (q2 : list (list Z)) (np : nat) (nn : list Z).
Hypothesis M : mounted m root s.
Hypothesis Hq1 : find (names s) root q1 = Some op_.
Hypothesis Ht : names s op_ on = Some t.
Hypothesis Hq2 : find (names s) root q2 = Some np.
Hypothesis Hnp : isd (tab s) np.
Hypothesis Hnn : names s np nn = None.
Hypothesis Hname : nn <> [] /\ ~ In slash nn.
Hypothesis Hpre : ~ (q1 ++ [on]) `prefix_of` q2.
Hypothesis HX : forall j, In j X -> j = np.

Let T := f_tree _ _ _ _ _ _ _ _ (holds_fs H).

Lemma move_old : isd (tab s) op_.
Proof. by apply (tree_dir _ _ _ T op_ on t). Qed.

Lemma below_none (c : Names) i q : (forall k, c i k = None) -> q <> [] -> find c i q = None.
Proof. destruct q as [|k q]; [done|]. intros E _. cbn. by rewrite E. Qed.

(** What was below the old name does not lead back to its parent. *)
Lemma move_no_cycle q : find (names s) t q <> Some op_.
Proof.
  destruct (dirb (tab s) t) eqn:Et; [by apply (no_cycle T op_ on)|].
  destruct q as [|k q]; intros E.
  - injection E as E. pose proof move_old as Ho. unfold isd in Ho. congruence.
  - assert (names s t k = None) as Hk; [|cbn in E; by rewrite Hk in E].
    unfold child. unfold dirb in Et. destruct (tab s !! t) as [n|]; [|done]. unfold is_dir_inode in Et. by destruct (kind n).
Qed.

Section Names.
Context {s1 : TmpfsState} {X1 : list nat} (H1 : holds X1 [] [t] os ps s1) (M1 : mounted m root s1).
Context (Hdir : forall j, dirb (tab s1) j = dirb (tab s) j).
Hypothesis Hc1 : forall d k, names s1 d k = bind_name (names s) op_ on None d k.

Lemma move_reach : find (names s1) root q2 = Some np.
Proof.
  rewrite (find_ext _ _ _ _ Hc1), (bind_elsewhere H m root q1 op_ on M Hq1 move_old None root m q2 M); [done|]. by intros [_ ?].
Qed.

Lemma move_below q : find (bind_name (names s1) np nn (Some t)) t q = find (names s) t q.
Proof.
  rewrite find_bind_below.
  - rewrite (find_ext _ _ _ _ Hc1). apply find_bind_below. apply move_no_cycle.
  - intros q' E. pose proof (f_tree _ _ _ _ _ _ _ _ (holds_fs H1)) as T1.
    assert (isd (tab s1) np) as Hd by (unfold isd; by rewrite Hdir).
    destruct (root_dir H1 m root M1) as [A1 A2]. destruct (dirb (tab s1) t) eqn:Et.
    + destruct (path_unique T1 t q' root q2 np) as [-> _]; auto; [right; by left|apply move_reach|].
      destruct (root_live H1 m root M1) as (nr & mt & Hr & Hdr & _). unfold is_dir_inode in Hdr.
      destruct (kind nr) as [e| | | |] eqn:Ek; try done.
      destruct (f_dir _ _ _ _ _ _ _ _ (holds_fs H1) root nr e Hr Ek) as (_ & _ & G). rewrite occ_cons, decide_True in G by done.
      pose proof (links_nonneg (tab s1) root). pose proof (proj1 (root_count_pos root _) (root_in M1)).
      pose proof (cnt_nonneg (Nat.eqb root) []). unfold occ in G. lia.
    + destruct q' as [|k q'].
      * injection E as E. unfold isd in Hd. congruence.
      * assert (names s1 t k = None) as Hk; [|cbn in E; by rewrite Hk in E].
        unfold child. unfold dirb in Et. destruct (tab s1 !! t) as [n|]; [|done]. unfold is_dir_inode in Et. by destruct (kind n).
Qed.

Lemma moved_bind s' : mount_roots s1 = mount_roots s -> mount_roots s' = mount_roots s ->
  (forall d k, names s' d k = bind_name (names s1) np nn (Some t) d k) -> moved s s' m (q1 ++ [on]) (q2 ++ [nn]).
Proof.
  intros R1 R' Hc' m' q'. pose proof (removed_bind H m root q1 op_ on M Hq1 move_old s1 R1 Hc1 m' q') as Hrem. unfold at_path in Hrem.
  rewrite R1 in Hrem. unfold at_path. rewrite R'. destruct (mount_roots s !! m') as [[r'|]|] eqn:M'.
  2,3: rewrite decide_False; [done|]; intros ->; unfold mounted in M; congruence.
  assert (mounted m' r' s1) as M1' by (unfold mounted; by rewrite R1).
  assert (isd (tab s1) np) as Hd1 by (unfold isd; by rewrite Hdir). pose proof move_reach as Hreach.
  rewrite (find_ext _ _ _ _ Hc'). destruct (decide (m' = m)) as [->|Hne].
  - assert (r' = root) as -> by (unfold mounted in M; congruence). destruct (decide ((q2 ++ [nn]) `prefix_of` q')) as [[q3 ->]|Hno].
    + rewrite M', (bind_there H1 m root q2 np nn M1 Hreach Hd1), move_below, drop_app_length.
      rewrite find_app, find_snoc, Hq1, Ht. done.
    + rewrite (bind_elsewhere H1 m root q2 np nn M1 Hreach Hd1 _ root m) by (done || by intros [_ ?]). rewrite Hrem, M'.
      repeat case_decide; tauto.
  - rewrite (bind_elsewhere H1 m root q2 np nn M1 Hreach Hd1 _ r' m') by (done || by intros [? _]). rewrite Hrem, decide_False; [done|].
    by intros [? _].
Qed.
End Names.

Lemma move_names_spec n1 n2 : tab s !! t = Some n1 -> tab s !! np = Some n2 -> dev n1 = dev n2 ->
  wp (do! _ <- drop_entry op_ on;
      do! added <- add_entry np nn t;
      if added : bool then
        do! _ <- recompute_dir_nlink op_;
        if (np =? op_)%nat then op_ret tt else recompute_dir_nlink np
      else op_err ENOTDIR) s True
    (fun s' x => x = Ok tt /\ good os ps s' /\ mount_roots s' = mount_roots s /\ moved s s' m (q1 ++ [on]) (q2 ++ [nn])
       /\ forall j nj, tab s !! j = Some nj -> is_dir_inode nj = false -> tab s' !! j = Some nj).
Proof.
  intros Hn1 Hn2 Hdev. destruct (holds_detach H op_ on t Ht) as (no & e & s1 & Ho & He & E1 & H1 & F1 & B1 & T1 & N1 & _).
  assert (is_dir_inode no = true) as Hdo by (unfold is_dir_inode; by rewrite He).
  assert (forall j, dirb (tab s1) j = dirb (tab s) j) as Hdb by (intros j; rewrite T1; by apply dirb_detach).
  assert (mounted m root s1) as M1 by (unfold mounted; by rewrite (proj1 F1)).
  apply (wp_eq_bind _ _ s s1 tt); [done|].
  assert (forall j nj, tab s !! j = Some nj -> exists nj', tab s1 !! j = Some nj' /\ dev nj' = dev nj /\ (is_dir_inode nj = false -> nj' = nj)) as Hkeep1.
  { intros j nj Hj. rewrite T1. destruct (decide (j = op_)) as [->|Hne]; [rewrite lookup_insert_eq|rewrite lookup_insert_ne by done; eauto].
    assert (nj = no) as -> by congruence. eexists. split_and!; [done..|]. intros; congruence. }
  destruct (Hkeep1 np n2 Hn2) as (n2' & Hn2' & D2 & _), (Hkeep1 t n1 Hn1) as (n1' & Hn1' & D1 & _).
  assert (isd (tab s1) np) as Hd1 by (unfold isd; by rewrite Hdb).
  apply isd_kind in Hd1 as (n2'' & e2 & Hx & He2). assert (n2'' = n2') as -> by congruence.
  eapply wp_spec_bind; [apply (holds_attach H1 np nn t [] n2' e2 n1' root q2); auto|done| |by intros s' e' (? & _)].
  - assert (names s1 np nn = None) as Hnn1 by (rewrite N1; unfold bind_name; by case_decide).
    unfold child in Hnn1. by rewrite Hn2', He2 in Hnn1.
  - congruence.
  - apply Hname.
  - apply Hname.
  - by apply (root_in M1).
  - by apply (move_reach N1).
  - intros s2 b (E & e' & H2 & F2 & B2 & T2 & N2 & _). injection E as ->. cbv iota.
    set (n3 := with_kind n2' (Dir e')) in *.
    assert (is_dir_inode n2' = true) as Hd2 by (unfold is_dir_inode; by rewrite He2).
    assert (forall j, dirb (tab s2) j = dirb (tab s) j) as Hdb2 by (intros j; rewrite T2, <- Hdb; by apply dirb_detach).
    assert (exists no', tab s2 !! op_ = Some no' /\ is_dir_inode no' = true) as (no' & Ho2 & Hdo').
    { pose proof move_old as Hm. unfold isd in Hm. rewrite <- Hdb2 in Hm. unfold dirb in Hm. destruct (tab s2 !! op_) as [x|]; [eauto|done]. }
    destruct (recompute_spec H2 op_ no' (if (np =? op_)%nat then [] else [np])) as (s3 & E3 & H3 & F3 & P3); auto.
    { intros j Hj [<-|[<-|Hin%HX]]; [|done|subst j]; destruct (Nat.eqb_spec np op_); try done; by left. }
    assert (tab s3 = <[op_ := with_nlink no' (2 + subdirs (tab s2) no')]> (tab s2)) as T3 by (rewrite P3; by apply (tab_put s2 op_ no')).
    apply (wp_eq_bind _ _ s2 s3 tt); [done|].
    assert (forall d k, names s3 d k = names s2 d k) as N3.
    { intros d k. rewrite T3, (child_put _ op_ no') by done. case_decide as Ed; [subst d|done]. unfold child. rewrite Ho2. done. }
    assert (mount_roots s3 = mount_roots s) as R3 by (rewrite (proj1 F3), (proj1 F2), (proj1 F1); done).
    assert (forall j nj, tab s !! j = Some nj -> is_dir_inode nj = false -> tab s3 !! j = Some nj) as K3.
    { intros j nj Hj Hdj. destruct (Hkeep1 j nj Hj) as (nj' & Hj1 & _ & Ej). rewrite (Ej Hdj) in Hj1.
      rewrite T3, lookup_insert_ne, T2, lookup_insert_ne; [done|intros <-; congruence|].
      intros <-. pose proof move_old as Hm. unfold isd, dirb in Hm. rewrite Hj in Hm. congruence. }
    destruct (Nat.eqb_spec np op_) as [E|Hne].
    + cbn. split_and!; auto. apply (moved_bind H1 M1 Hdb N1); [apply F1|done|]. intros d k. by rewrite N3.
    + assert (exists n4, tab s3 !! np = Some n4 /\ is_dir_inode n4 = true) as (n4 & Hn4 & Hd4).
      { exists n3. rewrite T3, lookup_insert_ne, T2, lookup_insert_eq by done. done. }
      destruct (recompute_spec H3 np n4 []) as (s4 & E4 & H4 & F4 & P4); auto.
      { by intros j Hj [<-|[]]. }
      assert (tab s4 = <[np := with_nlink n4 (2 + subdirs (tab s3) n4)]> (tab s3)) as T4 by (rewrite P4; by apply (tab_put s3 np n4)).
      unfold wp. rewrite E4. split_and!; auto.
      * by rewrite (proj1 F4).
      * apply (moved_bind H1 M1 Hdb N1); [apply F1|by rewrite (proj1 F4)|]. intros d k. rewrite <- N2, <- N3, T4, (child_put _ np n4) by done.
        case_decide as Ed; [subst d|done]. unfold child. rewrite Hn4. done.
      * intros j nj Hj Hdj. rewrite T4, lookup_insert_ne; [by apply K3|]. intros <-. specialize (K3 np nj Hj Hdj). congruence.
Qed.
End Move.

(** The destination goes: an empty directory, or a file with one name. *)
Definition replaceable (n : Inode) : Prop := match kind n with Dir e => no_entries e = true | _ => nlink n = 1 end.

Lemma replaceable_names s i n : tab s !! i = Some n -> replaceable n -> forall k, names s i k = None.
Proof.
  intros Hi Hr k. unfold child. rewrite Hi. unfold replaceable in Hr. destruct (kind n) as [e| | | |]; try done.
  unfold get_name. by rewrite (proj2 (no_entries_children e Hr)), lookup_empty.
Qed.

Lemma replace_spec {os ps s} (H : good os ps s) p name x n : names s p name = Some x -> tab s !! x = Some n -> replaceable n ->
  exists s', (do! _ <- drop_entry p name; do! _ <- set_nlink x 0; maybe_free x) s = Some (s', Ok tt) /\ holds [p] [] [] os ps s'
    /\ mount_roots s' = mount_roots s /\ (forall d k, names s' d k = bind_name (names s) p name None d k)
    /\ (forall j, j <> x -> j <> p -> tab s' !! j = tab s !! j) /\ (forall n', tab s' !! x = Some n' -> n' = with_nlink n (nlink n'))
    /\ exists np np', tab s !! p = Some np /\ tab s' !! p = Some np' /\ dev np' = dev np /\ is_dir_inode np' = true.
Proof.
  intros Hx Hn Hr. destruct (holds_detach H p name x Hx) as (np & e & s1 & Hp & He & E1 & H1 & F1 & B1 & T1 & N1 & Hperm).
  pose proof (replaceable_names s x n Hn Hr) as Hnames.
  assert (p <> x) as Hpx by (intros ->; by rewrite Hnames in Hx).
  assert (tab s1 !! x = Some n) as Hx1 by (rewrite T1, lookup_insert_ne; done).
  set (np' := with_kind np (Dir (fst (remove_name name e)))) in *.
  assert (exists s2, (do! _ <- set_nlink x 0; maybe_free x) s1 = Some (s2, Ok tt) /\ holds [p] [] [] os ps s2 /\ frees s1 s2
            /\ (tab s2 = delete x (tab s1) \/ exists n', tab s2 = <[x := n']> (tab s1) /\ is_dir_inode n' = false /\ n' = with_nlink n (nlink n'))) as (s2 & E2 & H2 & F2 & T2).
  { destruct (is_dir_inode n) eqn:Hd.
    - destruct (holds_discard H1 x [] n eq_refl Hx1 Hd) as (s2 & ? & ? & ? & ?); [|eauto 10].
      unfold kids. unfold replaceable in Hr. destruct (kind n) as [e0| | | |]; try done. apply (no_entries_children e0 Hr).
    - destruct (holds_release H1 x [] n eq_refl Hx1 Hd) as (s2 & E2 & ? & ? & T2). cbv zeta in T2. exists s2. split_and!; auto.
      + assert (nlink n = 1) as Hl by (unfold replaceable in Hr; unfold is_dir_inode in Hd; by destruct (kind n)).
        unfold op_bind, drop_link, set_nlink, op_modify in E2 |- *. rewrite (modify_put s1 x _ n) by done.
        rewrite (modify_put s1 x _ n) in E2 by done. by rewrite Hl in E2.
      + destruct (unreferenced _); [by left|]. right. eexists. split; [exact T2|done]. }
  exists s2. split; [by rewrite (bind_ok _ _ s s1 tt E1)|]. split; [done|]. split; [by rewrite (proj1 F2), (proj1 F1)|].
  assert (forall k, names s1 x k = None) as Hnx by (intros k; rewrite N1; unfold bind_name; case_decide; [done|apply Hnames]).
  split; [|split; [|split]].
  - intros d k. rewrite <- N1. destruct T2 as [->|(n' & -> & Hd' & _)]; unfold child at 1; (destruct (decide (d = x)) as [->|Hne];
      [|rewrite ?lookup_delete_ne, ?lookup_insert_ne by done; done]).
    + by rewrite lookup_delete_eq, Hnx.
    + rewrite lookup_insert_eq, Hnx. unfold is_dir_inode in Hd'. by destruct (kind n').
  - intros j J1 J2. destruct T2 as [->|(n' & -> & _)]; rewrite ?lookup_delete_ne, ?(lookup_insert_ne _ x j), T1, lookup_insert_ne; done.
  - intros n0. destruct T2 as [->|(n' & -> & _ & En)]; [by rewrite lookup_delete_eq|rewrite lookup_insert_eq]. intros E. injection E as <-. done.
  - exists np, np'. split_and!; auto. destruct T2 as [->|(n' & -> & _)]; rewrite ?lookup_delete_ne, ?(lookup_insert_ne _ x p), T1; try done; apply lookup_insert_eq.
Qed.

(** The root of the mount comes first. *)
Lemma wp_resolve_root {B} {os ps s} (H : good os ps s) m comps (k : nat * option (list Z) * option nat -> op TmpfsState B) Q :
  (forall s1 root, mount_root m s = Some (s1, Ok root) -> good os ps s1 -> extends s s1 -> mounted m root s1 ->
     wp (op_bind (resolve m comps) k) s1 True Q) ->
  wp (op_bind (resolve m comps) k) s True Q.
Proof.
  intros Hk. pose proof (mount_root_spec H m) as HR. unfold wp in HR. destruct (mount_root m s) as [[s1 [root|e]]|] eqn:E.
  - destruct HR as (r & Er & H1 & X1 & M1). injection Er as <-. specialize (Hk s1 root eq_refl H1 X1 M1).
    assert (op_bind (resolve m comps) k s = op_bind (resolve m comps) k s1) as Es by (unfold resolve, op_bind; by rewrite E, (root_ready s1 m root M1)).
    unfold wp in *. by rewrite Es.
  - by destruct HR as (? & ? & _).
  - unfold wp, resolve, op_bind. by rewrite E.
Qed.

(** What a rename may replace: a directory, a file without other names, or the
    renamed file itself. *)
Definition replaces_one (s : TmpfsState) (old_path new_path : list Z) : Prop :=
  forall s1 i n, walk_path new_path s = Some (s1, Ok i) -> tab s1 !! i = Some n -> is_dir_inode n = false ->
    nlink n = 1 \/ walk_path old_path s = Some (s1, Ok i).

Definition renamed (os ps : list nat) (s : TmpfsState) (m : nat) (c1 c2 : list (list Z)) (s' : TmpfsState) : Prop :=
  exists s1 i n, good os ps s1 /\ extends s s1 /\ at_path s1 m c1 = Some i /\ tab s1 !! i = Some n /\ mount_roots s' = mount_roots s1
    /\ match at_path s1 m c2 with
       | None => moved s1 s' m c1 c2 /\ forall j nj, tab s1 !! j = Some nj -> is_dir_inode nj = false -> tab s' !! j = Some nj
       | Some x => if decide (x = i) then tab s' = tab s1
                   else moved s1 s' m c1 c2 /\ files_kept s1 s' x /\ exists nx, tab s1 !! x = Some nx /\ is_dir_inode nx = is_dir_inode n
                     /\ (In x os \/ In x ps -> exists l, tab s' !! x = Some (with_nlink nx l))
       end.

Lemma walk_path_root path m rel s s1 root i : match_mount path = Some (m, rel) -> mount_root m s = Some (s1, Ok root) ->
  mounted m root s1 -> at_path s1 m (split_components rel) = Some i -> walk_path path s = Some (s1, Ok i).
Proof.
  intros E Er M F. rewrite (at_mounted _ _ _ _ M) in F. unfold walk_path, locate, op_bind, op_lift. rewrite E. cbn [ok_or op_ret fst snd].
  rewrite Er. unfold walk_from. pose proof (walk_spec s1 root (split_components rel)) as Hw.
  destruct (walk s1 root (split_components rel)); [congruence|]. destruct Hw. congruence.
Qed.

Section Rename.
Context {os ps : list nat} {s : TmpfsState} (H : good os ps s) (m root : nat) (c1 c2 : list (list Z)) (p1 p2 : nat) (n1 n2 : list Z) (t : nat) (nt : Inode).
Context (R1 : resolved m root c1 s p1 (Some n1) (Some t)) (Ht : tab s !! t = Some nt) (Hname : n2 <> [] /\ ~ In slash n2).
Hypothesis Hbelow : forall x r, c2 <> c1 ++ x :: r.

(** The last four steps of a rename. *)
Definition move_steps : op TmpfsState unit :=
  do! _ <- drop_entry p1 n1;
  do! added <- add_entry p2 n2 t;
  if added : bool then
    do! _ <- recompute_dir_nlink p1;
    if (p2 =? p1)%nat then op_ret tt else recompute_dir_nlink p2
  else op_err ENOTDIR.

Lemma not_below q : c2 = q ++ [n2] -> ~ c1 `prefix_of` q.
Proof.
  intros E [r ->]. destruct r as [|x r].
  - apply (Hbelow n2 []). by rewrite E, app_nil_r.
  - apply (Hbelow x (r ++ [n2])). by rewrite E, <- app_assoc.
Qed.

Lemma rename_free : resolved m root c2 s p2 (Some n2) None ->
  wp move_steps s True (fun s' x => x = Ok tt /\ good os ps s' /\ mount_roots s' = mount_roots s /\ moved s s' m c1 c2
    /\ forall j nj, tab s !! j = Some nj -> is_dir_inode nj = false -> tab s' !! j = Some nj).
Proof.
  intros R2. destruct (resolved_parent H m root c1 p1 n1 (Some t) R1) as (q1 & np1 & mt & E1 & Hq1 & Hp1 & Hd1 & _ & Hv1 & Hn1).
  destruct (resolved_parent H m root c2 p2 n2 None R2) as (q2 & np2 & mt2 & E2 & Hq2 & Hp2 & Hd2 & _ & Hv2 & Hn2).
  destruct (root_live H m root (r_mounted _ _ _ _ _ _ _ R1)) as (nr & mt' & Hr & _).
  pose proof (not_below q2 E2) as Hnb. rewrite E1 in Hnb. rewrite E1, E2.
  apply (move_names_spec H m root q1 p1 n1 t q2 p2 n2) with (n1 := nt) (n2 := np2); auto; [apply R1|unfold isd, dirb; by rewrite Hp2|by intros j []|].
  apply (find_name_dev H root c1 q2 t p2); eauto. by destruct (target_live H m root c1 p1 (Some n1) t R1).
Qed.

Lemma rename_over x nx : resolved m root c2 s p2 (Some n2) (Some x) -> x <> t -> tab s !! x = Some nx -> replaceable nx ->
  exists s2, (do! _ <- drop_entry p2 n2; do! _ <- set_nlink x 0; maybe_free x) s = Some (s2, Ok tt) /\
  wp move_steps s2 True (fun s' y => y = Ok tt /\ good os ps s' /\ mount_roots s' = mount_roots s /\ moved s s' m c1 c2 /\ files_kept s s' x
    /\ (In x os \/ In x ps -> exists l, tab s' !! x = Some (with_nlink nx l))).
Proof.
  intros R2 Hxt Hx Hrep. destruct (resolved_parent H m root c1 p1 n1 (Some t) R1) as (q1 & np1 & mt & E1 & Hq1 & Hp1 & Hd1 & _ & Hv1 & Hn1).
  destruct (resolved_parent H m root c2 p2 n2 (Some x) R2) as (q2 & np2 & mt2 & E2 & Hq2 & Hp2 & Hd2 & _ & Hv2 & Hn2).
  pose proof (r_mounted _ _ _ _ _ _ _ R1) as M. destruct (root_live H m root M) as (nr & mt' & Hr & _).
  destruct (replace_spec H p2 n2 x nx (eq_sym Hn2) Hx Hrep) as (s2 & Es2 & H2 & Rt2 & N2 & K2 & L2 & np & np' & Hnp & Hnp' & D2 & Hd2').
  assert (np = np2) as -> by congruence. exists s2. split; [done|].
  pose proof (not_below q2 E2) as Hnb. rewrite E1 in Hnb.
  assert (isd (tab s) p2) as Hisd2 by (unfold isd, dirb; by rewrite Hp2).
  destruct (target_live H m root c2 p2 (Some n2) x R2) as [Fx _]. destruct (target_live H m root c1 p1 (Some n1) t R1) as [Ft _].
  pose proof (replaceable_names s x nx Hx Hrep) as Hnx.
  (* the destination is neither the source nor above it *)
  assert (forall r, q1 <> c2 ++ r) as Habove.
  { intros r E. rewrite E, find_app, Fx in Hq1. destruct r as [|k r]; [|cbn in Hq1; by rewrite Hnx in Hq1].
    injection Hq1 as Hq1. subst x. rewrite Hnx in Hn1. done. }
  assert (forall r, q1 ++ [n1] ++ r <> c2) as Hsrc.
  { intros r E. destruct r as [|k r]; [|apply (Hbelow k r); by rewrite <- E, E1, <- app_assoc].
    rewrite app_nil_r in E. rewrite E1, E, Fx in Ft. congruence. }
  assert (forall r, ~ c2 `prefix_of` (q1 ++ [n1]) ++ r) as Hpre.
  { intros r [r' E]. rewrite <- app_assoc in E. apply app_eq_app in E as (l & [[Ea Eb]|[Ea Eb]]); [by apply (Habove l)|].
    destruct l as [|y l]; [apply (Habove []); by rewrite Ea, !app_nil_r|]. injection Eb as Ey Eb. apply (Hsrc l). by rewrite Ea, Ey. }
  assert (find (names s2) root q1 = Some p1) as Hq1'.
  { rewrite (find_ext _ _ _ _ N2), (bind_elsewhere H m root q2 p2 n2 M Hq2 Hisd2 None root m q1 M), Hq1; [done|].
    intros [_ [r E]]. apply (Habove r). by rewrite E2. }
  assert (find (names s2) root q2 = Some p2) as Hq2'.
  { rewrite (find_ext _ _ _ _ N2), (bind_elsewhere H m root q2 p2 n2 M Hq2 Hisd2 None root m q2 M), Hq2; [done|].
    intros [_ [r E]]. apply (f_equal length) in E. rewrite !length_app in E. cbn in E. lia. }
  assert (exists nt', tab s2 !! t = Some nt' /\ dev nt' = dev nt) as (nt' & Ht' & Dt).
  { destruct (decide (t = p2)) as [->|Hne]; [exists np'; split; [done|congruence]|]. exists nt. rewrite K2 by done. done. }
  assert (mounted m root s2) as M2 by (unfold mounted; by rewrite Rt2).
  rewrite E1, E2. eapply wp_mono; [apply (move_names_spec H2 m root q1 p1 n1 t q2 p2 n2) with (n1 := nt') (n2 := np'); auto|done|].
  - rewrite N2, bind_name_ne; [done|]. intros [-> ->]. congruence.
  - unfold isd, dirb. by rewrite Hnp'.
  - by rewrite N2, bind_name_eq.
  - by intros j [<-|[]].
  - rewrite Dt, D2. apply (find_name_dev H root c1 q2 t p2); eauto.
  - cbv beta. intros s' y (-> & H' & Rt' & Mv & K'). split_and!; auto; [congruence| | |].
    + pose proof (removed_bind H m root q2 p2 n2 M Hq2 Hisd2 s2 Rt2 N2) as Rm. rewrite <- E2 in Mv, Rm |- *.
      intros m' q'. rewrite Mv, !Rm. destruct (decide (m' = m)) as [->|Hne]; [|rewrite decide_False by (by intros [? _]); done].
      destruct (decide (c2 `prefix_of` q')) as [Hp|Hp].
      * rewrite decide_False; [done|]. intros [_ Hp']. by apply (Hpre (drop (length c2) q')).
      * rewrite (decide_False (P := m = m /\ c2 `prefix_of` q')) by (by intros [_ ?]). done.
    + intros j nj J1 J2 J3. apply K'; [|done]. rewrite K2; [done|done|]. intros ->. congruence.
    + intros Hheld. destruct (f_held _ _ _ _ _ _ _ _ (holds_fs H2) x Hheld) as (n' & Hn' & Hdn'). exists (nlink n'). rewrite <- (L2 n' Hn'). by apply K'.
Qed.
End Rename.

Lemma rename_spec {os ps s} (H : good os ps s) old_path new_path : canonical old_path -> canonical new_path -> replaces_one s old_path new_path ->
  wp (rename old_path new_path) s True (fun s' x => good os ps s' /\
    match x with
    | Err e => extends s s'
    | Ok _ => exists m rel1 rel2, match_mount old_path = Some (m, rel1) /\ match_mount new_path = Some (m, rel2)
                /\ renamed os ps s m (split_components rel1) (split_components rel2) s'
    end).
Proof.
  intros C1 C2 Hone. unfold rename. apply wp_locate. destruct (match_mount old_path) as [[m rel1]|] eqn:M1; [|auto with tmpfs].
  apply wp_locate. destruct (match_mount new_path) as [[m2 rel2]|] eqn:M2; [|auto with tmpfs]. cbn [fst snd].
  destruct (Nat.eqb_spec m m2) as [<-|]; cbn [negb]; [|cbn; auto with tmpfs].
  destruct (below old_path new_path) eqn:Eb; [cbn; auto with tmpfs|].
  destruct (_ || _); [cbn; auto with tmpfs|].
  set (c1 := split_components rel1) in *. set (c2 := split_components rel2) in *.
  assert (forall x r, c2 <> c1 ++ x :: r) as Hbelow.
  { intros x r E. rewrite (below_components old_path new_path m rel1 rel2 x r) in Eb; done. }
  apply (wp_resolve_root H). intros s1 root Er H1 X1 Mr.
  eapply wp_spec_bind; [apply (resolve_mounted H1 m root c1 Mr)|done| |].
  2: { intros s' e [-> _]. auto. }
  intros s' [[p1 name1] target1] [-> R1]. apply wp_ok_or_bind. destruct target1 as [t|]; [|auto].
  apply wp_ok_or_bind. destruct name1 as [n1|]; [|auto].
  eapply wp_spec_bind; [apply (resolve_mounted H1 m root c2 Mr)|done| |].
  2: { intros s' e [-> _]. auto. }
  intros s' [[p2 name2] target2] [-> R2]. apply wp_ok_or_bind. destruct name2 as [n2|]; [|auto].
  destruct (target_live H1 m root c1 p1 (Some n1) t R1) as [Ft [nt Ht]].
  assert (n2 <> [] /\ ~ In slash n2) as Hname.
  { destruct R2 as [_ (q & _ & _ & Ec & _)]. apply (split_components_proper rel2). fold c2. rewrite Ec. apply in_or_app. right. by left. }
  assert (at_path s1 m c1 = Some t) as At by by rewrite (at_mounted _ _ _ _ Mr).
  assert (at_path s1 m c2 = target2) as A2.
  { rewrite (at_mounted _ _ _ _ Mr). destruct R2 as [_ (q & np & e & -> & Hq & _ & _ & ->)]. rewrite find_snoc, Hq. done. }
  assert (forall s', good os ps s' -> renamed os ps s m c1 c2 s' ->
    wp (do! _ <- emit (Changed 2 old_path); emit (Changed 1 new_path)) s' True (fun s' x => x = Ok tt /\ good os ps s' /\ renamed os ps s m c1 c2 s')) as Hemit by (intros; done).
  eapply (wp_spec_bind _ _ _ _ _ _ (fun s' x => good os ps s' /\ match x with Ok _ => renamed os ps s m c1 c2 s' | Err e => extends s s' end)); [|done| |by intros s' e ?].
  2: { intros s' [] [Hg Hr]. eapply wp_mono; [by apply Hemit|done|]. intros s2 x (-> & G2 & Q2). split; [done|]. by exists m, rel1, rel2. }
  case_bool_decide as Esame.
  { cbn. split; [done|]. exists s1, t, nt. split_and!; auto. rewrite A2, Esame. by rewrite decide_True. }
  apply (wp_get_or t _ nt); [done|]. destruct target2 as [x|].
  - destruct (target_live H1 m root c2 p2 (Some n2) x R2) as [Fx [nx Hx]]. unfold replace_destination.
    assert (x <> t) as Hxt by congruence. apply wp_assoc. apply (wp_get_or x _ nx); [done|].
    destruct (is_dir_inode nt && negb (is_dir_inode nx)) eqn:E1; [cbn; auto|].
    destruct (negb (is_dir_inode nt) && is_dir_inode nx) eqn:E2; [cbn; auto|].
    assert (is_dir_inode nx = is_dir_inode nt) as Esd by (destruct (is_dir_inode nx), (is_dir_inode nt); done).
    destruct (match kind nx with Dir e => negb (no_entries e) | _ => false end) eqn:E3; [cbn; auto|].
    assert (replaceable nx) as Hrep.
    { unfold replaceable. assert (is_dir_inode nx = false -> nlink nx = 1) as Hl.
      { intros Hd. destruct (Hone s1 x nx) as [Hl|Hsame]; auto; [by apply (walk_path_root new_path m rel2 s s1 root)|].
        rewrite (walk_path_root old_path m rel1 s s1 root t) in Hsame by done. congruence. }
      unfold is_dir_inode in Hl. destruct (kind nx) as [e| | | |]; auto. by destruct (no_entries e). }
    destruct (rename_over H1 m root c1 c2 p1 p2 n1 n2 t nt R1 Ht Hname Hbelow x nx R2 Hxt Hx Hrep) as (s2 & Es2 & HW).
    apply (wp_eq_bind _ _ s1 s2 tt); [done|]. eapply wp_mono; [exact HW|done|]. intros s' y (-> & H' & Rt & Mv & K & L). split; [done|].
    exists s1, t, nt. split_and!; auto. rewrite A2, decide_False by done. split_and!; auto. exists nx. split_and!; auto.
  - apply wp_ret_bind. eapply wp_mono; [by apply (rename_free H1 m root c1 c2 p1 p2 n1 n2 t nt R1 Ht)|done|].
    intros s' y (-> & H' & Rt & Mv & K). split; [done|]. exists s1, t, nt. split_and!; auto. by rewrite A2.
Qed.
