(* ===== verification/TmpfsTree.v ===== *)
(** * Removal of trees in the in-memory file system

    The loop of [remove_tree]: the children of the directories taken off the
    tree are pending names, and every turn of the loop frees one directory. *)

From S2P Require Import Prelude Path NameTree Tmpfs TmpfsInv TmpfsSteps TmpfsOps TmpfsMove.
From Stdlib Require Import Permutation.

(** ** Pending names *)

Lemma fs_pend_perm {X Y pend os ps t rs bs} (F : fs_ok X Y pend os ps t rs bs) pend' : pend' ≡ₚ pend -> fs_ok X Y pend' os ps t rs bs.
Proof.
  intros E. split; try apply F.
  - apply (tree_ext _ _ _ _ _ _ (f_tree _ _ _ _ _ _ _ _ F)); [done..|]. intros i _. by rewrite E.
  - intros i. rewrite E. apply F.
  - intros i n e Hi Hk. rewrite E. by apply (f_dir _ _ _ _ _ _ _ _ F).
  - intros i n Hi Hd. rewrite E. by apply (f_file _ _ _ _ _ _ _ _ F).
Qed.

Lemma holds_perm {X Y pend os ps s} pend' : holds X Y pend os ps s -> pend' ≡ₚ pend -> holds X Y pend' os ps s.
Proof. intros (H1 & H2 & H3) E. split; [done|]. split; [by apply (fs_pend_perm H2)|done]. Qed.

(** An inode that is gone has no link count to be out of date. *)
Lemma holds_gone {X Y pend os ps s d} : holds (d :: X) Y pend os ps s -> tab s !! d = None -> holds X Y pend os ps s.
Proof.
  intros (H1 & F & H3) Hd. split; [done|]. split; [|done]. split; try apply F. intros j n e Hj Hk.
  destruct (f_dir _ _ _ _ _ _ _ _ F j n e Hj Hk) as (G1 & G2 & G3). split_and!; auto. intros HX. apply G2. intros [<-|?]; [congruence|done].
Qed.

Lemma find_clear_eq (c : Names) d r q : (forall q', find c r q' <> Some d) -> find (@clear_names c d) r q = find c r q.
Proof.
  revert r. induction q as [|n q IH]; intros r H; [done|]. cbn [find]. unfold clear_names at 1.
  rewrite decide_False by (intros ->; by apply (H [])). destruct (c r n) as [i|] eqn:E; [|done].
  apply IH. intros q'. specialize (H (n :: q')). cbn in H. by rewrite E in H.
Qed.

(** A pending directory is not below a mount. *)
Lemma pend_unreachable {X Y pend os ps s} (H : holds X Y pend os ps s) d m r q : In d pend -> isd (tab s) d ->
  mounted m r s -> find (names s) r q <> Some d.
Proof.
  intros Hp Hd M E. destruct (root_dir H m r M) as [A1 A2].
  destruct (path_unique (f_tree _ _ _ _ _ _ _ _ (holds_fs H)) r q d [] d) as [-> _]; auto.
  apply isd_kind in Hd as (n & e & Hn & Hk). destruct (f_dir _ _ _ _ _ _ _ _ (holds_fs H) d n e Hn Hk) as (_ & _ & G).
  pose proof (links_nonneg (tab s) d). apply occ_pos in Hp. pose proof (proj1 (root_count_pos d _) (root_in M)). lia.
Qed.

(** What the loop leaves: the names below the mounts, and of the files all but
    the link counts of those that stay. *)
Record shrinks (s s' : TmpfsState) : Prop := {
  sh_roots : mount_roots s' = mount_roots s;
  sh_names : forall m r q, mounted m r s -> find (names s') r q = find (names s) r q;
  sh_file : forall j n', tab s' !! j = Some n' -> is_dir_inode n' = false -> exists n, tab s !! j = Some n /\ n' = with_nlink n (nlink n');
  sh_size : (size (tab s') <= size (tab s))%nat }.

Lemma with_nlink_id n : n = with_nlink n (nlink n).
Proof. by destruct n. Qed.

Lemma shrinks_refl s : shrinks s s.
Proof. split; try done. intros j n' Hj _. exists n'. split; [done|apply with_nlink_id]. Qed.
Lemma shrinks_trans s1 s2 s3 : shrinks s1 s2 -> shrinks s2 s3 -> shrinks s1 s3.
Proof.
  intros [A1 A2 A3 A4] [B1 B2 B3 B4]. split; [congruence| | |lia].
  - intros m r q M. rewrite (B2 m) by (unfold mounted; by rewrite A1). by apply (A2 m).
  - intros j n3 H3 Hd. destruct (B3 j n3 H3 Hd) as (n2 & H2 & E2).
    destruct (A3 j n2 H2) as (n1 & H1 & E1); [by rewrite E2 in Hd|]. exists n1. split; [done|]. rewrite E2, E1. done.
Qed.

Section Loop.
Context {os ps : list nat}.

Lemma remove_children_spec cs rest stack s X : holds X [] (cs ++ rest) os ps s -> (forall i, In i stack -> isd (tab s) i) ->
  exists s' new, remove_children cs stack s = Some (s', Ok (new ++ stack)) /\ holds X [] (new ++ rest) os ps s' /\ shrinks s s'
    /\ (forall i, In i new -> isd (tab s') i) /\ (forall i n, tab s !! i = Some n -> is_dir_inode n = true -> tab s' !! i = Some n).
Proof.
  revert rest stack s. induction cs as [|c cs IH]; intros rest stack s H Hst.
  { exists s, []. split_and!; auto using shrinks_refl. by intros i []. }
  destruct (f_pend _ _ _ _ _ _ _ _ (holds_fs H) c) as [n Hc]; [by left|]. cbn [remove_children].
  change (op_bind (op_get (fun s => is_dir_at s c)) ?k s) with (k (is_dir_at s c) s). cbv beta.
  assert (is_dir_at s c = is_dir_inode n) as -> by (unfold is_dir_at; by rewrite <- tab_get, Hc).
  destruct (is_dir_inode n) eqn:Hd.
  - assert (isd (tab s) c) as Hdc by (unfold isd, dirb; by rewrite Hc).
    destruct (IH (c :: rest) (c :: stack) s) as (s' & new & E & H' & S' & D' & K').
    + apply (holds_perm _ H). cbn. by rewrite Permutation_middle.
    + by intros i [<-|?]; auto.
    + exists s', (new ++ [c]). rewrite <- !app_assoc. split_and!; auto. intros i [Hi|[<-|[]]]%in_app_or; [by apply D'|].
      unfold isd, dirb. by rewrite (K' c n Hc Hd).
  - destruct (holds_release H c (cs ++ rest) n eq_refl Hc Hd) as (s1 & E1 & H1 & F1 & T1). cbv zeta in T1.
    assert (forall j, j <> c -> tab s1 !! j = tab s !! j) as Hne.
    { intros j Hj. rewrite T1. by destruct (unreferenced _); rewrite ?lookup_delete_ne, ?lookup_insert_ne. }
    assert (forall i x, tab s !! i = Some x -> is_dir_inode x = true -> tab s1 !! i = Some x) as Hk1.
    { intros i x Hi Hx. rewrite Hne; [done|]. intros ->. congruence. }
    assert (shrinks s s1) as S1.
    { split; [apply F1| | |].
      - intros m r q _. apply find_ext, (names_leaf s s1 c); auto; [by apply (file_no_names s c n)|].
        intros k. unfold child. rewrite T1. destruct (unreferenced _); [by rewrite lookup_delete_eq|rewrite lookup_insert_eq].
        cbn [kind with_nlink with_refs]. unfold is_dir_inode in Hd. by destruct (kind n).
      - intros j n' Hj _. destruct (decide (j = c)) as [->|Hjc].
        + rewrite T1 in Hj. destruct (unreferenced _); [by rewrite lookup_delete_eq in Hj|]. rewrite lookup_insert_eq in Hj. injection Hj as <-. eauto.
        + rewrite Hne in Hj by done. exists n'. split; [done|apply with_nlink_id].
      - rewrite T1. destruct (unreferenced _); [rewrite map_size_delete_Some by eauto; lia|rewrite map_size_insert_Some by eauto; lia]. }
    assert (forall i, In i stack -> isd (tab s1) i) as Hst1.
    { intros i Hi. apply Hst in Hi. unfold isd, dirb in Hi |- *. destruct (tab s !! i) as [x|] eqn:Ex; [|done]. by rewrite (Hk1 i x). }
    destruct (IH rest stack s1 H1 Hst1) as (s' & new & E & H' & S' & D' & K').
    exists s', new. split_and!; auto; [|by apply (shrinks_trans _ s1)].
    unfold op_bind in E1 |- *. destruct (drop_link c s) as [[sa [a|a]]|]; try done. by rewrite E1.
Qed.

Lemma take_children_spec d stack s : holds [] [] (d :: stack) os ps s -> isd (tab s) d ->
  exists s' cs, take_children d s = Some (s', Ok cs) /\ holds [d] [] (cs ++ d :: stack) os ps s' /\ shrinks s s'
    /\ (exists n, tab s' !! d = Some n /\ is_dir_inode n = true /\ kids n = []) /\ (forall i, isd (tab s) i -> isd (tab s') i).
Proof.
  intros H Hd. pose proof (fun m r q => pend_unreachable H d m r q (or_introl eq_refl) Hd) as Hun.
  apply isd_kind in Hd as (n & e & Hn & Hk). set (n' := with_kind n (Dir new_entries)).
  assert (tab (put s d n') = <[d := n']> (tab s)) as T by by apply (tab_put s d n).
  assert (forall x k, names (put s d n') x k = @clear_names (names s) d x k) as N.
  { intros x k. rewrite T, (child_put _ d n) by done. unfold clear_names. case_decide; [|done]. cbn. unfold get_name. cbn. by rewrite lookup_empty. }
  assert (forall j, dirb (tab (put s d n')) j = dirb (tab s) j) as Hdb.
  { intros j. rewrite T. apply (dirb_put (tab s) d n); [done|]. unfold is_dir_inode. by rewrite Hk. }
  exists (put s d n'), (children e). split; [|split; [|split; [|split]]].
  - unfold take_children, entries_of. rewrite <- tab_get, Hn, Hk. by rewrite (modify_put s d _ n).
  - apply (holds_put H _ _ _ _ _ d n n' Hn). apply (fs_entries (holds_fs H) _ d n e); auto with kandelo.
    + apply (tree_ext (@clear_names (names s) d) _ (isd (tab s)) _ (fun r => In (Some r) (mount_roots s) \/ In r (children e ++ d :: stack)));
        [|by intros; rewrite <- N, T|done..].
      apply (tree_clear (f_tree _ _ _ _ _ _ _ _ (holds_fs H))). intros r _. rewrite in_app_iff, in_children. unfold child. rewrite Hn, Hk.
      setoid_rewrite get_name_Some. intuition.
    + intros m i. unfold get_name. cbn. by rewrite lookup_empty.
  - split; [done| | |].
    + intros m r q M. rewrite (find_ext _ _ _ _ N). apply find_clear_eq. intros q'. by apply (Hun m).
    + intros j nj Hj Hdj. exists nj. split; [|apply with_nlink_id]. rewrite T in Hj. destruct (decide (j = d)) as [->|Hne].
      * rewrite lookup_insert_eq in Hj. by injection Hj as <-.
      * by rewrite lookup_insert_ne in Hj.
    + rewrite T, map_size_insert_Some; eauto.
  - exists n'. rewrite T, lookup_insert_eq. by split_and!.
  - intros i. unfold isd. by rewrite Hdb.
Qed.

Lemma remove_directories_spec fuel stack s : holds [] [] stack os ps s -> (forall i, In i stack -> isd (tab s) i) -> (size (tab s) <= fuel)%nat ->
  exists s', remove_directories fuel stack s = Some (s', Ok tt) /\ good os ps s' /\ shrinks s s'.
Proof.
  revert stack s. induction fuel as [|fuel IH]; intros [|d stack] s H Hst Hsz; try (exists s; split_and!; auto using shrinks_refl; done).
  { exfalso. destruct (f_pend _ _ _ _ _ _ _ _ (holds_fs H) d) as [n Hn]; [by left|].
    assert (size (tab s) = 0%nat) as Hz by lia. apply map_size_empty_inv in Hz. rewrite Hz in Hn. done. }
  destruct (take_children_spec d stack s H (Hst d (or_introl eq_refl))) as (s1 & cs & E1 & H1 & S1 & (n & Hn & Hdn & Hkn) & D1).
  destruct (remove_children_spec cs (d :: stack) stack s1 [d] H1) as (s2 & new & E2 & H2 & S2 & D2 & K2).
  { intros i Hi. apply D1, Hst. by right. }
  assert (holds [d] [] (d :: new ++ stack) os ps s2) as H2' by (apply (holds_perm _ H2); by rewrite Permutation_middle).
  destruct (holds_discard H2' d (new ++ stack) n eq_refl (K2 d n Hn Hdn) Hdn Hkn) as (s3 & E3 & H3 & F3 & T3).
  assert (holds [] [] (new ++ stack) os ps s3) as H3' by (apply (holds_gone H3); rewrite T3; apply lookup_delete_eq).
  assert (shrinks s2 s3) as S3.
  { split; [apply F3| | |].
    - intros m r q _. assert (forall k, names s2 d k = None) as Hd0.
      { intros k. unfold child. rewrite (K2 d n Hn Hdn). unfold kids in Hkn. destruct (kind n) as [e| | | |]; try done.
        destruct (get_name k e) as [x|] eqn:Ex; [|done]. apply get_name_Some in Ex as [ck Ex].
        assert (In x (children e)) as Hin by (apply in_children; eauto). by rewrite Hkn in Hin. }
      apply find_ext, (names_leaf s2 s3 d); [done| |].
      + intros j Hj. by rewrite T3, lookup_delete_ne.
      + intros k. unfold child. by rewrite T3, lookup_delete_eq.
    - intros j n' Hj _. rewrite T3 in Hj. apply lookup_delete_Some in Hj as [_ Hj]. exists n'. split; [done|apply with_nlink_id].
    - rewrite T3, map_size_delete_Some; [lia|]. rewrite (K2 d n Hn Hdn). eauto. }
  destruct (IH (new ++ stack) s3 H3') as (s4 & E4 & H4 & S4).
  - intros i Hi. assert (isd (tab s2) i) as Hi2.
    { apply in_app_or in Hi as [Hi|Hi]; [by apply D2|]. pose proof (D1 i (Hst i (or_intror Hi))) as Hd. unfold isd, dirb in Hd |- *.
      destruct (tab s1 !! i) as [x|] eqn:Ex; [|done]. by rewrite (K2 i x). }
    destruct (decide (i = d)) as [->|Hne]; [|unfold isd, dirb; by rewrite T3, lookup_delete_ne].
    exfalso. apply isd_kind in Hi2 as (x & ex & Hx & Hkx). destruct (f_dir _ _ _ _ _ _ _ _ (holds_fs H2') d x ex Hx Hkx) as (_ & _ & G).
    rewrite occ_cons, decide_True in G by done. apply occ_pos in Hi. pose proof (links_nonneg (tab s2) d).
    pose proof (cnt_nonneg (fun o => bool_decide (o = Some d)) (mount_roots s2)). unfold root_count in G. lia.
  - pose proof (sh_size _ _ S1). pose proof (sh_size _ _ S2). assert (size (tab s3) = pred (size (tab s2))) as Hp.
    { rewrite T3. apply map_size_delete_Some. rewrite (K2 d n Hn Hdn). eauto. }
    assert (0 < size (tab s2))%nat; [|lia]. destruct (decide (size (tab s2) = 0%nat)) as [Hz|]; [|lia].
    apply map_size_empty_inv in Hz. specialize (K2 d n Hn Hdn). by rewrite Hz in K2.
  - exists s4. split; [|split; [done|]].
    + cbn [remove_directories]. rewrite (bind_ok _ _ s s1 cs E1), (bind_ok _ _ s1 s2 _ E2).
      unfold op_bind in E3 |- *. destruct (set_nlink d 0 s2) as [[sa [a|a]]|]; try done. by rewrite E3.
    + apply (shrinks_trans _ s1); [done|]. apply (shrinks_trans _ s2); [done|]. by apply (shrinks_trans _ s3).
Qed.
End Loop.

(** ** The whole operation *)

Lemma tab_size s : (size (tab s) <= length (inodes s))%nat.
Proof.
  rewrite <- size_dom. assert (dom (tab s) ⊆ set_seq (C := gset nat) 0 (length (inodes s))) as Hsub.
  { intros i [n Hi]%elem_of_dom. rewrite tab_get in Hi. apply get_lt, lookup_lt_Some in Hi. apply elem_of_set_seq. lia. }
  apply subseteq_size in Hsub. by rewrite size_set_seq in Hsub.
Qed.

Definition tree_removed (os ps : list nat) (s : TmpfsState) (m : nat) (c : list (list Z)) (s' : TmpfsState) : Prop :=
  exists s1 i, good os ps s1 /\ extends s s1 /\ at_path s1 m c = Some i /\ isd (tab s1) i /\ removed s1 s' m c /\ mount_roots s' = mount_roots s1
    /\ (forall j n', tab s' !! j = Some n' -> is_dir_inode n' = false -> exists n, tab s1 !! j = Some n /\ n' = with_nlink n (nlink n')).

Lemma remove_tree_spec {os ps s} (H : good os ps s) path :
  wp (remove_tree path) s (exists m rel, match_mount path = Some (m, rel) /\ forall r, ~ mounted m r s) (fun s' x => good os ps s' /\
    match x with
    | Err e => extends s s'
    | Ok _ => exists m rel, match_mount path = Some (m, rel) /\ tree_removed os ps s m (split_components rel) s'
    end).
Proof.
  unfold remove_tree. apply wp_locate. destruct (match_mount path) as [[m rel]|] eqn:M1; [|auto with tmpfs]. cbn [fst snd].
  case_bool_decide; [cbn; auto with tmpfs|]. set (c := split_components rel).
  eapply wp_spec_bind; [apply (resolve_spec H)|by exists m, rel| |].
  2: { intros s1 e (H1 & X1 & _). auto. }
  intros s1 [[p name] target] (H1 & X1 & root & Mr & R). apply wp_ok_or_bind. destruct target as [i|]; [|auto].
  apply wp_ok_or_bind. destruct name as [name|]; [|auto].
  destruct (target_live H1 m root c p (Some name) i R) as [Fi [n Hi]]. apply (wp_get_or i _ n); [done|].
  destruct (is_dir_inode n) eqn:Hd; [|cbn; auto].
  destruct (detach_dir_spec H1 m root c p name i R n Hi Hd) as (s2 & E2 & H2 & F2 & N2 & _ & K2 & D2).
  destruct (resolved_parent H1 m root c p name (Some i) R) as (q & np & mt & Ec & Hq & Hp & Hdp & _).
  destruct (remove_directories_spec (length (inodes s2)) [i] s2 H2) as (s3 & E3 & H3 & S3).
  { intros j [<-|[]]. unfold isd. rewrite D2. unfold dirb. by rewrite Hi. }
  { apply tab_size. }
  apply (wp_eq _ _ s3 (Ok tt)).
  { unfold op_bind in E2 |- *. destruct (drop_entry p name s1) as [[sa [a|a]]|]; try done. rewrite E2. unfold op_get. done. }
  split; [done|]. exists m, rel. split; [done|]. exists s1, i.
  assert (mount_roots s3 = mount_roots s1) as R3 by (rewrite (sh_roots _ _ S3); apply F2).
  assert (isd (tab s1) p) as Hdp' by (unfold isd, dirb; by rewrite Hp).
  split_and!; auto.
  - by rewrite (at_mounted _ _ _ _ Mr).
  - unfold isd, dirb. by rewrite Hi.
  - intros m' q'. fold c. rewrite Ec. rewrite <- (removed_bind H1 m root q p name Mr Hq Hdp' s2 (proj1 F2) N2).
    unfold at_path. rewrite R3, (proj1 F2). destruct (mount_roots s1 !! m') as [[r|]|] eqn:Er; try done.
    apply (sh_names _ _ S3 m'). unfold mounted. by rewrite (proj1 F2).
  - intros j n' Hj Hdj. destruct (sh_file _ _ S3 j n' Hj Hdj) as (nj & Hnj & E). exists nj. split; [|done].
    rewrite <- K2; [done|]. intros ->. rewrite E in Hdj. change (is_dir_inode nj = false) in Hdj.
    pose proof (D2 p) as Dp. unfold dirb in Dp. rewrite Hnj, Hp in Dp. congruence.
Qed.
