(* ===== verification/TmpfsData.v ===== *)
(** * Content, references and metadata of the in-memory file system

    The operations of Tmpfs.v that work on one inode: what they keep of the
    invariant and what they do to the bytes of a file. *)

From S2P Require Import Prelude Path NameTree Tmpfs TmpfsInv TmpfsSteps TmpfsOps TmpfsMove.
From Stdlib Require Import Permutation.

(** ** Ledgers of open and mapped references *)

(** One reference less, when there is one. *)
Fixpoint drop_one (i : nat) (l : list nat) : list nat :=
  match l with
  | [] => []
  | j :: l => if (i =? j)%nat then l else j :: drop_one i l
  end.

Lemma occ_drop_one i l j : occ j (drop_one i l) = if decide (j = i) then saturating_sub (occ i l) 1 else occ j l.
Proof.
  induction l as [|x l IH]; [case_decide; reflexivity|]. cbn [drop_one]. destruct (Nat.eqb_spec i x) as [<-|Hne].
  - rewrite !occ_cons, (decide_True (P := i = i)) by done. pose proof (cnt_nonneg (Nat.eqb i) l). unfold saturating_sub, occ in *.
    repeat case_decide; subst; lia || congruence.
  - rewrite !occ_cons, IH, (decide_False (P := i = x)) by done. unfold saturating_sub; repeat case_decide; subst; congruence || lia.
Qed.

Section Refs.
Context {os ps : list nat} {s : TmpfsState} (H : good os ps s).

(** New ledgers for one file. *)
Lemma holds_refs i n os' ps' : tab s !! i = Some n -> is_dir_inode n = false ->
  (forall j, j <> i -> occ j os' = occ j os /\ occ j ps' = occ j ps) ->
  holds [] [i] [] os' ps' (put s i (with_refs n (nlink n) (occ i os') (occ i ps'))).
Proof.
  intros Hi Hd Hj. set (n' := with_refs _ _ _ _). apply (holds_put H _ _ _ _ _ i n n' Hi).
  destruct (f_file _ _ _ _ _ _ _ _ (holds_fs H) i n Hi Hd) as (G1 & _).
  apply (fs_put (holds_fs H) [] [i] [] os' ps' (mount_bytes s) i n n'); try done.
  - intros j Hne. destruct (Hj j Hne). split_and!; auto.
  - rewrite Hd. split; [done|]. intros []. by left.
  - eapply accounts_ext; [|apply (f_bytes _ _ _ _ _ _ _ _ (holds_fs H))]. intros d. change (bytes_of n') with (bytes_of n). lia.
Qed.

(** A reference more: the file stays referenced. *)
Lemma holds_more i n os' ps' : tab s !! i = Some n -> is_dir_inode n = false ->
  (forall j, j <> i -> occ j os' = occ j os /\ occ j ps' = occ j ps) -> occ i os <= occ i os' -> occ i ps <= occ i ps' ->
  good os' ps' (put s i (with_refs n (nlink n) (occ i os') (occ i ps'))).
Proof.
  intros Hi Hd Hj Ho Hp. destruct (holds_refs i n os' ps' Hi Hd Hj) as (S1 & F & S3). split; [done|]. split; [|done].
  apply (fs_live F). intros j m Hm [<-|[]] _. rewrite (tab_put s i n) in Hm by done. rewrite lookup_insert_eq in Hm. injection Hm as <-.
  destruct (f_file _ _ _ _ _ _ _ _ (holds_fs H) i n Hi Hd) as (_ & G2). specialize (G2 (fun x => x)).
  destruct (f_refs _ _ _ _ _ _ _ _ (holds_fs H) i n Hi) as (R1 & R2 & _). unfold unreferenced in *. cbn [nlink open_count map_pins with_refs].
  rewrite R1, R2 in G2. pose proof (cnt_nonneg (Nat.eqb i) os). pose proof (cnt_nonneg (Nat.eqb i) ps). unfold occ in *.
  destruct (nlink n =? 0); [|done]. cbn in G2 |- *.
  destruct (Z.eqb_spec (cnt (Nat.eqb i) os') 0), (Z.eqb_spec (cnt (Nat.eqb i) ps') 0); try done.
  destruct (Z.eqb_spec (cnt (Nat.eqb i) os) 0), (Z.eqb_spec (cnt (Nat.eqb i) ps) 0); cbn in G2; lia || done.
Qed.

(** A reference less: the file goes with the last one. *)
Lemma holds_less i n os' ps' : tab s !! i = Some n -> is_dir_inode n = false ->
  (forall j, j <> i -> occ j os' = occ j os /\ occ j ps' = occ j ps) ->
  let n' := with_refs n (nlink n) (occ i os') (occ i ps') in
  exists s', maybe_free i (put s i n') = Some (s', Ok tt) /\ good os' ps' s' /\ frees s s'
    /\ tab s' = if unreferenced n' then delete i (tab s) else <[i := n']> (tab s).
Proof.
  intros Hi Hd Hj n'. pose proof (holds_refs i n os' ps' Hi Hd Hj) as H1. fold n' in H1.
  assert (tab (put s i n') = <[i := n']> (tab s)) as T1 by by apply (tab_put s i n).
  destruct (holds_free H1 [] i n') as (s' & E & H2 & F2 & T2).
  - rewrite T1. apply lookup_insert_eq.
  - done.
  - intros j Hne _ [?|[]]. congruence.
  - exists s'. split_and!; auto. rewrite T2, T1. destruct (unreferenced n'); [apply delete_insert_eq|done].
Qed.

Lemma dir_unheld i n : tab s !! i = Some n -> is_dir_inode n = true -> ~ In i os /\ ~ In i ps /\ unreferenced n = false.
Proof.
  intros Hi Hd. assert (forall l, l = os \/ l = ps -> ~ In i l) as Hno.
  { intros l Hl Hin. destruct (f_held _ _ _ _ _ _ _ _ (holds_fs H) i) as (n' & ? & ?); [|congruence]. destruct Hl as [<-|<-]; auto. }
  split_and!; auto. pose proof (nlink_exact H i n Hi Hd). pose proof (cnt_nonneg (dirb (tab s)) (kids n)). unfold unreferenced, subdirs in *.
  rewrite (proj2 (Z.eqb_neq _ 0)) by lia. done.
Qed.

Lemma drop_one_absent i l : ~ In i l -> drop_one i l = l.
Proof.
  induction l as [|x l IH]; intros Hn; [done|]. cbn. rewrite (proj2 (Nat.eqb_neq _ _)) by (intros ->; apply Hn; by left).
  f_equal. apply IH. intros ?. apply Hn. by right.
Qed.
End Refs.

Lemma put_same s i n : get s i = Some n -> put s i n = s.
Proof. intros E%get_lt. unfold put, set_inodes. rewrite list_insert_id by done. by destruct s. Qed.

Definition handle_inode (handle : Z) : option nat := match file_handle_to_inode handle with Ok i => Some i | Err _ => None end.

Lemma wp_inode_of {B} handle (k : nat -> op TmpfsState B) s P Q :
  match handle_inode handle with Some i => wp (k i) s P Q | None => Q s (Err EBADF) end -> wp (op_bind (inode_of handle) k) s P Q.
Proof.
  unfold handle_inode, wp, inode_of, op_bind, op_lift. unfold file_handle_to_inode. destruct (is_tmpfs_file_handle handle); [|done].
  by destruct (try_u32 _).
Qed.

Lemma wp_get_or_cases {B} i e (k : Inode -> op TmpfsState B) s P Q :
  match tab s !! i with Some n => wp (k n) s P Q | None => Q s (Err e) end -> wp (op_bind (get_or i e) k) s P Q.
Proof. rewrite tab_get. unfold wp, get_or, op_bind, op_get, op_lift. by destruct (get s i). Qed.

(** ** References *)

Section RefOps.
Context {os ps : list nat} {s : TmpfsState} (H : good os ps s).

Lemma occ_more i j (l : list nat) : occ j (i :: l) = if decide (j = i) then 1 + occ i l else occ j l.
Proof. rewrite occ_cons. case_decide; subst; lia. Qed.

(** A second reference to an open file. *)
Lemma add_ref_spec handle : (forall i, handle_inode handle = Some i -> In i os) ->
  wp (add_ref_handle handle) s True (fun s' x =>
    match handle_inode handle with
    | Some i => x = Ok true /\ good (i :: os) ps s' /\ exists n, tab s !! i = Some n /\ s' = put s i (with_refs n (nlink n) (open_count n + 1) (map_pins n))
    | None => x = Ok false /\ s' = s
    end).
Proof.
  intros Hin. unfold wp, add_ref_handle. unfold handle_inode in *. destruct (file_handle_to_inode handle) as [i|e]; [|done].
  destruct (f_held _ _ _ _ _ _ _ _ (holds_fs H) i) as (n & Hi & Hd); [left; by apply Hin|]. rewrite <- tab_get, Hi.
  unfold checked_add. destruct (_ <=? u32_max); [|done]. split; [done|].
  destruct (f_refs _ _ _ _ _ _ _ _ (holds_fs H) i n Hi) as (R1 & R2 & _). split; [|eauto].
  rewrite R1, R2. replace (occ i os + 1) with (occ i (i :: os)) by (rewrite occ_more, decide_True by done; lia).
  apply (holds_more H i n (i :: os) ps); auto; [|rewrite occ_more, decide_True by done; lia|lia].
  intros j Hj. by rewrite occ_more, decide_False.
Qed.

(** The reference of an inode dropped; the inode goes with its last one. *)
Definition dropped (i : nat) (os' ps' : list nat) (s' : TmpfsState) : Prop :=
  good os' ps' s' /\ frees s s' /\ match tab s !! i with
    | None => s' = s
    | Some n => let n' := with_refs n (nlink n) (occ i os') (occ i ps') in
                tab s' = if unreferenced n' then delete i (tab s) else <[i := n']> (tab s)
    end.

Lemma drop_ref_spec i n os' ps' : tab s !! i = Some n ->
  (os' = drop_one i os /\ ps' = ps \/ os' = os /\ ps' = drop_one i ps) ->
  exists s', maybe_free i (put s i (with_refs n (nlink n) (occ i os') (occ i ps'))) = Some (s', Ok tt) /\ dropped i os' ps' s'.
Proof.
  intros Hi Hl. unfold dropped. rewrite Hi. destruct (is_dir_inode n) eqn:Hd.
  - destruct (dir_unheld H i n Hi Hd) as (N1 & N2 & Hu). destruct (f_refs _ _ _ _ _ _ _ _ (holds_fs H) i n Hi) as (R1 & R2 & _).
    assert (os' = os /\ ps' = ps) as [-> ->] by (destruct Hl as [[-> ->]|[-> ->]]; by rewrite ?drop_one_absent).
    rewrite <- R1, <- R2. replace (with_refs n (nlink n) (open_count n) (map_pins n)) with n by by destruct n. cbv zeta.
    rewrite put_same by by rewrite <- tab_get. exists s. rewrite (maybe_free_keep s i n), Hu, insert_id by done. split_and!; auto with tmpfs.
  - destruct (holds_less H i n os' ps' Hi Hd) as (s' & E & G & F & T); [|eauto].
    intros j Hj. destruct Hl as [[-> ->]|[-> ->]]; rewrite ?occ_drop_one, ?decide_False; done.
Qed.

Lemma release_handle_spec handle :
  wp (release_handle handle) s False (fun s' x =>
    match handle_inode handle with
    | Some i => exists b, x = Ok b /\ dropped i (drop_one i os) ps s'
    | None => x = Ok false /\ s' = s
    end).
Proof.
  unfold wp, release_handle, handle_inode. destruct (file_handle_to_inode handle) as [i|e]; [|done]. rewrite <- tab_get.
  destruct (tab s !! i) as [n|] eqn:Hi.
  - destruct (f_refs _ _ _ _ _ _ _ _ (holds_fs H) i n Hi) as (R1 & R2 & _).
    assert (saturating_sub (open_count n) 1 = occ i (drop_one i os)) as -> by (by rewrite R1, occ_drop_one, decide_True).
    rewrite R2. destruct (drop_ref_spec i n (drop_one i os) ps Hi) as (s' & E & D); [auto|]. unfold op_bind. rewrite E. cbn. eauto.
  - exists false. split; [done|]. unfold dropped. rewrite Hi. rewrite drop_one_absent; [auto with tmpfs|].
    intros Hin. destruct (f_held _ _ _ _ _ _ _ _ (holds_fs H) i) as (n & ? & _); [auto|congruence].
Qed.

Lemma pin_spec handle :
  wp (pin_mapping handle) s False (fun s' x => match x with
    | Ok _ => exists i, handle_inode handle = Some i /\ good os (i :: ps) s'
                /\ exists n, tab s !! i = Some n /\ s' = put s i (with_refs n (nlink n) (open_count n) (map_pins n + 1))
    | Err e => s' = s
    end).
Proof.
  unfold pin_mapping. apply wp_inode_of. destruct (handle_inode handle) as [i|]; [|done]. apply wp_get_or_cases.
  destruct (tab s !! i) as [n|] eqn:Hi; [|done].
  assert (wp (do! pins <- op_lift (ok_or (checked_add u32_max (map_pins n) 1) EOVERFLOW);
              op_modify (modify i (fun n => with_refs n (nlink n) (open_count n) pins))) s False (fun s' x => match x with
    | Ok _ => exists i0, Some i = Some i0 /\ (is_dir_inode n = false -> good os (i0 :: ps) s')
                /\ exists n, tab s !! i0 = Some n /\ s' = put s i0 (with_refs n (nlink n) (open_count n) (map_pins n + 1))
    | Err e => s' = s end)) as HW.
  { apply wp_ok_or_bind. unfold checked_add. destruct (_ <=? u32_max); [|done]. unfold wp, op_modify. rewrite (modify_put s i _ n) by done.
    exists i. split; [done|]. split; [|eauto]. intros Hd. destruct (f_refs _ _ _ _ _ _ _ _ (holds_fs H) i n Hi) as (R1 & R2 & _).
    rewrite R1, R2. replace (occ i ps + 1) with (occ i (i :: ps)) by (rewrite occ_more, decide_True by done; lia).
    apply (holds_more H i n os (i :: ps)); auto; [|lia|rewrite occ_more, decide_True by done; lia].
    intros j Hj. by rewrite occ_more, decide_False. }
  destruct (kind n) eqn:Ek; try done; (eapply wp_mono; [exact HW|done|]); intros s' [[]|e] Hx; try done;
    destruct Hx as (i0 & E & Hg & Hn); injection E as <-; exists i; split_and!; auto; apply Hg; unfold is_dir_inode; by rewrite Ek.
Qed.

Lemma unpin_spec handle :
  wp (unpin_mapping handle) s False (fun s' x => x = Ok tt /\
    match handle_inode handle with
    | Some i => dropped i os (drop_one i ps) s'
    | None => s' = s
    end).
Proof.
  unfold wp, unpin_mapping, handle_inode. destruct (file_handle_to_inode handle) as [i|e]; [|done].
  unfold op_bind, op_modify. destruct (tab s !! i) as [n|] eqn:Hi.
  - rewrite (modify_put s i _ n) by done. destruct (f_refs _ _ _ _ _ _ _ _ (holds_fs H) i n Hi) as (R1 & R2 & _).
    assert (saturating_sub (map_pins n) 1 = occ i (drop_one i ps)) as -> by (by rewrite R2, occ_drop_one, decide_True).
    rewrite R1. destruct (drop_ref_spec i n os (drop_one i ps) Hi) as (s' & E & D); [auto|]. rewrite E. eauto.
  - assert (get s i = None) as Hg by by rewrite <- tab_get. unfold modify. rewrite Hg. unfold maybe_free. rewrite Hg. split; [done|]. unfold dropped. rewrite Hi. rewrite drop_one_absent; [auto with tmpfs|].
    intros Hin. destruct (f_held _ _ _ _ _ _ _ _ (holds_fs H) i) as (n & ? & _); [auto|congruence].
Qed.
End RefOps.

(** ** Byte accounts *)

(** The accounts of the state with [b] more bytes on a device. *)
Definition account (s : TmpfsState) (dv b : Z) : TmpfsState :=
  set_mount_bytes s (zip_with (fun u m => u + if dv =? m_dev m then b else 0) (mount_bytes s) SCRATCH_MOUNTS).

Lemma zip_with_map {A B C} (f : A -> B -> C) (g : B -> A) l : zip_with f (map g l) l = map (fun x => f (g x) x) l.
Proof. induction l; cbn; congruence. Qed.
Lemma account_map s f dv b : mount_bytes s = map (fun m => f (m_dev m)) SCRATCH_MOUNTS ->
  account s dv b = set_mount_bytes s (map (fun m => f (m_dev m) + if dv =? m_dev m then b else 0) SCRATCH_MOUNTS).
Proof. intros E. unfold account. by rewrite E, zip_with_map. Qed.

(** Changes of an inode that concern neither its names nor its references. *)
Record same_refs (n n' : Inode) : Prop := {
  sr_dir : is_dir_inode n' = is_dir_inode n;
  sr_entries : forall e, kind n = Dir e -> kind n' = Dir e;
  sr_dev : dev n' = dev n;
  sr_counts : nlink n' = nlink n /\ open_count n' = open_count n /\ map_pins n' = map_pins n }.

(** Inodes are on mounts, and the account of a mount is what it stores and
    [x] more. *)
Definition sound (s : TmpfsState) : Prop :=
  slab_ok s /\ (forall i n, tab s !! i = Some n -> is_Some (mount_of_dev (dev n))) /\ length (byte_limits s) = length SCRATCH_MOUNTS.
Definition slack (x : Z -> Z) (s : TmpfsState) : Prop :=
  (forall d, 0 <= x d) /\ mount_bytes s = map (fun m => used (tab s) (m_dev m) + x (m_dev m)) SCRATCH_MOUNTS.

Section Accounts.
Context {s : TmpfsState} {x : Z -> Z} (Hs : sound s) (Hx : slack x s).

Lemma slack_map : mount_bytes s = map (fun m => (fun d => used (tab s) d + x d) (m_dev m)) SCRATCH_MOUNTS.
Proof. apply Hx. Qed.

Lemma account_zero dv : account s dv 0 = s.
Proof.
  rewrite (account_map s _ dv 0 slack_map). transitivity (set_mount_bytes s (mount_bytes s)); [|by destruct s].
  rewrite slack_map. f_equal. apply map_ext. intros m. destruct (_ =? _); lia.
Qed.

Lemma charge_account i n b : tab s !! i = Some n ->
  charge (dev n) b s = Some (account s (dev n) b, Ok tt) \/ charge (dev n) b s = Some (s, Err ENOSPC).
Proof.
  intros Hi. rewrite (account_map s _ (dev n) b slack_map). apply (charge_spec s _ (dev n) slack_map); [by apply (proj1 (proj2 Hs) i)|apply Hs].
Qed.

Lemma credit_account i n b : tab s !! i = Some n -> b <= bytes_of n -> credit (dev n) b s = Some (account s (dev n) (- b), Ok tt).
Proof.
  intros Hi Hb. pose proof (bytes_le_used (tab s) i n Hi). pose proof (proj1 Hx (dev n)). rewrite (account_map s _ (dev n) (- b) slack_map).
  rewrite (credit_spec s _ (dev n) slack_map); [|by apply (proj1 (proj2 Hs) i)|lia]. do 3 f_equal. apply map_ext. intros m. destruct (_ =? _); lia.
Qed.

(** What was charged for nothing is given back. *)
Lemma credit_back i n b : tab s !! i = Some n -> credit (dev n) b (account s (dev n) b) = Some (s, Ok tt).
Proof.
  intros Hi. pose proof (bytes_le_used (tab s) i n Hi). pose proof (bytes_of_nonneg n). pose proof (proj1 Hx (dev n)).
  rewrite <- (account_zero (dev n)) at 2. rewrite !(account_map s _ _ _ slack_map).
  rewrite (credit_spec _ (fun d => used (tab s) d + x d + if dev n =? d then b else 0) (dev n)).
  - unfold set_mount_bytes. cbn. do 3 f_equal. apply map_ext. intros m. destruct (_ =? _); lia.
  - done.
  - by apply (proj1 (proj2 Hs) i).
  - rewrite Z.eqb_refl. lia.
Qed.

(** A shrinking inode gives back after the change. *)
Lemma credit_put i n n' b : tab s !! i = Some n -> b <= bytes_of n ->
  credit (dev n) b (put s i n') = Some (put (account s (dev n) (- b)) i n', Ok tt).
Proof.
  intros Hi Hb. pose proof (bytes_le_used (tab s) i n Hi). pose proof (proj1 Hx (dev n)). rewrite (account_map s _ (dev n) (- b) slack_map).
  rewrite (credit_spec (put s i n') _ (dev n) slack_map); [|by apply (proj1 (proj2 Hs) i)|lia].
  unfold put, set_inodes, set_mount_bytes. cbn. do 3 f_equal. apply map_ext. intros m. destruct (_ =? _); lia.
Qed.
End Accounts.

(** What a call on the content of a file does: nothing, a change of one inode
    that its mount is charged for, or a charge alone. *)
Definition revised (s : TmpfsState) (i : nat) (n n' : Inode) (s' : TmpfsState) : Prop :=
  tab s !! i = Some n /\ same_refs n n' /\ s' = put (account s (dev n) (bytes_of n' - bytes_of n)) i n'.
Definition adjusted (s s' : TmpfsState) : Prop :=
  s' = s \/ (exists i n n', revised s i n n' s') \/ exists dv b, 0 <= b /\ s' = account s dv b.

Lemma revised_tab s i n n' s' : revised s i n n' s' -> tab s' = <[i := n']> (tab s) /\ mount_roots s' = mount_roots s /\ now s' = now s.
Proof. intros (Hi & _ & ->). split; [|done]. by apply (tab_put (account s _ _) i n). Qed.

Section GoodAccounts.
Context {os ps : list nat} {s : TmpfsState} (H : good os ps s).

Lemma good_sound : sound s.
Proof. destruct H as (S1 & F & S3). split; [done|]. split; [|done]. intros i n Hi. by apply (f_refs _ _ _ _ _ _ _ _ F i). Qed.
Lemma good_slack : exists x, slack x s.
Proof. destruct (f_bytes _ _ _ _ _ _ _ _ (holds_fs H)) as (x & Hx). by exists x. Qed.

Lemma holds_account i n n' : tab s !! i = Some n -> same_refs n n' ->
  good os ps (put (account s (dev n) (bytes_of n' - bytes_of n)) i n').
Proof.
  intros Hi [Sd Se Sv (Sl & So & Sp)]. destruct H as (S1 & F & S3).
  assert (tab (put (account s (dev n) (bytes_of n' - bytes_of n)) i n') = <[i := n']> (tab s)) as T by by apply (tab_put (account s _ _) i n).
  split; [apply (slab_put (account s _ _) i n); [done|]; by rewrite <- tab_get|]. split; [|done]. rewrite T. cbn [put set_inodes account set_mount_bytes mount_roots mount_bytes].
  destruct (f_refs _ _ _ _ _ _ _ _ F i n Hi) as (R1 & R2 & _).
  apply (fs_put F [] [] [] os ps _ i n n'); try done; try congruence.
  - destruct (is_dir_inode n) eqn:E.
    + unfold is_dir_inode in E. destruct (kind n) as [e| | | |] eqn:Ek; try done.
      destruct (f_dir _ _ _ _ _ _ _ _ F i n e Hi Ek) as (G1 & G2 & G3). split_and!; auto. by rewrite Sl.
    + destruct (f_file _ _ _ _ _ _ _ _ F i n Hi E) as (G1 & G2). rewrite Sl. split; [done|].
      unfold unreferenced in *. by rewrite Sl, So, Sp.
  - destruct (f_bytes _ _ _ _ _ _ _ _ F) as (x & Hx & E). exists x. split; [done|]. rewrite E, zip_with_map. apply map_ext. intros m. destruct (_ =? _); lia.
Qed.

(** More may be charged than is stored. *)
Lemma holds_charged dv b : 0 <= b -> good os ps (account s dv b).
Proof.
  intros Hb. destruct H as (S1 & F & S3). split; [done|]. split; [|done]. destruct F as [F1 F2 F3 F4 F5 F6 F7 F8 (x & Hx & E) F10]. split; try done.
  exists (fun d => x d + if dv =? d then b else 0). split; [intros d; pose proof (Hx d); destruct (_ =? _); lia|].
  cbn [mount_bytes account set_mount_bytes]. rewrite E, zip_with_map. apply map_ext. intros m. change (tab (account s dv b)) with (tab s). lia.
Qed.

Lemma holds_revised i n n' s' : revised s i n n' s' -> good os ps s'.
Proof. intros (Hi & Hr & ->). by apply holds_account. Qed.
End GoodAccounts.

(** ** Content *)

Lemma same_refs_touch t n n' : same_refs n n' -> same_refs n (touch_modified t n').
Proof. intros [A B C D]. by split. Qed.
Lemma same_refs_changed t n n' : same_refs n n' -> same_refs n (touch_changed t n').
Proof. intros [A B C D]. by split. Qed.
Lemma same_refs_setid n n' : same_refs n n' -> same_refs n (clear_setid_on_modify n').
Proof. intros [A B C D]. by split. Qed.
Lemma same_refs_data n d d' : kind n = Regular d -> same_refs n (with_kind n (Regular d')).
Proof. intros E. split; [unfold is_dir_inode; by rewrite E|by rewrite E|done..]. Qed.
Lemma same_refs_refl n : same_refs n n.
Proof. by split. Qed.
#[global] Hint Resolve same_refs_touch same_refs_changed same_refs_setid same_refs_data same_refs_refl : tmpfs.

(** [data] with [buf] at [start], with zeros in between. *)
Definition written (start : nat) (buf data : list Z) : list Z :=
  splice start buf (data ++ replicate (start + length buf - length data) 0).
(** [data] cut or filled up with zeros. *)
Definition resized (len : nat) (data : list Z) : list Z := take len data ++ replicate (len - length data) 0.

Lemma written_lookup start buf data k :
  written start buf data !! k =
    if decide (start <= k < start + length buf)%nat then buf !! (k - start)%nat
    else if decide (k < length data)%nat then data !! k
    else if decide (k < start + length buf)%nat then Some 0 else None.
Proof.
  unfold written, splice. set (g := data ++ replicate _ 0).
  assert (length g = Nat.max (length data) (start + length buf)) as Hg by (unfold g; rewrite length_app, length_replicate; lia).
  assert (forall j, g !! j = if decide (j < length data)%nat then data !! j else if decide (j < start + length buf)%nat then Some 0 else None) as Hgl.
  { intros j. unfold g. case_decide; [by rewrite lookup_app_l|]. rewrite lookup_app_r by lia.
    case_decide; [apply lookup_replicate_2; lia|]. rewrite lookup_ge_None_2; [done|]. rewrite length_replicate. lia. }
  destruct (decide (start <= k < start + length buf)%nat) as [Hk|Hk].
  - rewrite lookup_app_r by (rewrite length_take; lia). rewrite length_take, Nat.min_l by lia. by rewrite lookup_app_l by lia.
  - destruct (decide (k < start)%nat) as [Hlt|Hge].
    + rewrite lookup_app_l by (rewrite length_take; lia). by rewrite lookup_take_lt, Hgl by lia.
    + rewrite lookup_app_r by (rewrite length_take; lia). rewrite length_take, Nat.min_l by lia.
      rewrite lookup_app_r by lia. rewrite lookup_drop, <- Hgl. f_equal. lia.
Qed.

Lemma written_length start buf data : length (written start buf data) = Nat.max (length data) (start + length buf).
Proof.
  unfold written, splice. rewrite !length_app, length_take, length_drop, length_app, length_replicate. lia.
Qed.

Lemma resized_length len data : length (resized len data) = len.
Proof. unfold resized. rewrite length_app, length_take, length_replicate. lia. Qed.

(** What a read at [start] of at most [size] bytes returns. *)
Definition read_bytes (data : list Z) (start size : nat) : list Z := take size (drop start data).

Lemma read_written start buf data : read_bytes (written start buf data) start (length buf) = buf.
Proof.
  unfold read_bytes, written, splice. set (g := data ++ _).
  assert (start <= length g)%nat by (unfold g; rewrite length_app, length_replicate; lia).
  rewrite drop_app_ge by (rewrite length_take; lia). rewrite length_take, Nat.min_l, Nat.sub_diag by done. apply take_app_length.
Qed.

Section Content.
Context {s : TmpfsState} {x : Z -> Z} (Hs : sound s) (Hx : slack x s).

(** One file has new bytes. *)
Definition new_data (i : nat) (data' : list Z) (s' : TmpfsState) : Prop :=
  exists n n' data, revised s i n n' s' /\ kind n = Regular data /\ kind n' = Regular data' /\ xattrs n' = xattrs n /\ frozen n = false.

Lemma put_account i n n' data data' : tab s !! i = Some n -> kind n = Regular data -> kind n' = Regular data' -> same_refs n n' ->
  xattrs n' = xattrs n -> frozen n = false -> new_data i data' (put (account s (dev n) (lenZ data' - lenZ data)) i n').
Proof.
  intros Hi Hk Hk' Hr E Hf. exists n, n', data. split; [|done]. split; [done|]. split; [done|]. unfold bytes_of. rewrite Hk, Hk', E.
  do 2 f_equal. lia.
Qed.

Lemma growth_eq (data : list Z) end_ : 0 <= end_ -> saturating_sub end_ (lenZ data) = lenZ (data ++ replicate (Z.to_nat end_ - length data) 0) - lenZ data.
Proof. intros. rewrite length_app, length_replicate. unfold saturating_sub. lia. Qed.

Lemma grown_eq mem data end_ : 0 <= end_ ->
  (if lenZ data <? end_ then grow_file_bytes mem data end_ ENOSPC else Ok data) = Ok (data ++ replicate (Z.to_nat end_ - length data) 0)
  \/ (if lenZ data <? end_ then grow_file_bytes mem data end_ ENOSPC else Ok data) = Err ENOSPC.
Proof.
  intros He. unfold grow_file_bytes. destruct (Z.ltb_spec (lenZ data) end_) as [Hlt|Hge].
  - destruct (mem && _); [left|by right]. do 3 f_equal. lia.
  - left. replace (Z.to_nat end_ - length data)%nat with 0%nat by lia. cbn. by rewrite app_nil_r.
Qed.

Lemma write_runs mem handle offset buf :
  wp (write mem handle offset buf) s False (fun s' r => match r with
    | Ok k => k = lenZ buf /\ 0 <= offset /\ as_u32 offset + lenZ buf <= usize_max /\ exists i data, handle_inode handle = Some i
                /\ (exists n, tab s !! i = Some n /\ kind n = Regular data) /\ new_data i (written (Z.to_nat (as_u32 offset)) buf data) s'
    | Err e => s' = s
    end).
Proof.
  unfold write. apply wp_inode_of. destruct (handle_inode handle) as [i|]; [|done].
  destruct (Z.ltb_spec offset 0) as [|Hoff]; [done|]. apply wp_get_or_cases. destruct (tab s !! i) as [n|] eqn:Hi; [|done].
  assert (0 <= as_u32 offset <= usize_max) as Hstart.
  { unfold as_u32, usize_max, u32_max. pose proof (Z.mod_pos_bound offset (2 ^ 32) ltac:(lia)). lia. }
  set (start := as_u32 offset) in *. apply wp_ok_or_bind. unfold checked_add.
  destruct (Z.leb_spec (start + lenZ buf) usize_max) as [Hend|]; [|done]. set (end_ := start + lenZ buf) in *.
  set (growth := saturating_sub end_ _).
  destruct (frozen n) eqn:Hf.
  { apply wp_ret_bind, wp_lift_bind. unfold check_mutable. by rewrite Hf. }
  destruct (charge_account Hs Hx i n growth Hi) as [E|E].
  2: { unfold wp, op_bind. by rewrite E. }
  apply (wp_eq_bind _ _ s (account s (dev n) growth) tt); [done|]. apply wp_lift_bind. unfold check_mutable. rewrite Hf.
  destruct (kind n) as [e|data|target|bits|source size] eqn:Hk; try (cbn; replace growth with 0 by (unfold growth, saturating_sub; lia); apply (account_zero Hs Hx)).
  destruct (grown_eq mem data end_) as [->| ->]; [unfold end_; lia|..].
  2: { unfold wp, op_bind, op_match, op_lift. rewrite (credit_back Hs Hx i n) by done. done. }
  unfold op_match, op_lift. apply wp_ret_bind, wp_get_bind, wp_modify_bind. cbn [wp op_ret]. split; [done|]. split; [done|]. split; [done|].
  exists i, data. split; [done|]. split; [eauto|].
  set (d' := splice _ _ _). assert (d' = written (Z.to_nat start) buf data) as Ed.
  { unfold d', written. replace (Z.to_nat end_ - length data)%nat with (Z.to_nat start + length buf - length data)%nat by (unfold end_; lia). done. }
  rewrite <- Ed. rewrite (modify_put _ i _ n) by done. cbv zeta.
  assert (growth = lenZ d' - lenZ data) as ->.
  { rewrite Ed. rewrite written_length. unfold growth, saturating_sub, end_. lia. }
  apply (put_account i n _ data d'); auto; case_bool_decide; eauto with tmpfs.
Qed.

Lemma grow_resized mem data len e : 0 <= len -> (lenZ data < len -> mem = true /\ len <= isize_max) ->
  grow_file_bytes mem data len e = Ok (resized (Z.to_nat len) data).
Proof.
  intros H0 Hm. unfold grow_file_bytes, resized. destruct (Z.ltb_spec (lenZ data) len) as [Hlt|Hge].
  - destruct (Hm Hlt) as [-> Hle]. cbn. rewrite (proj2 (Z.leb_le _ _)) by done. f_equal. rewrite take_ge by lia. f_equal. f_equal. lia.
  - replace (Z.to_nat len - length data)%nat with 0%nat by lia. cbn. by rewrite app_nil_r.
Qed.

(** The growth of a truncation that the allocator refuses stays charged. *)
Definition refused (mem : bool) (handle len : Z) (s' : TmpfsState) : Prop :=
  exists i n data, handle_inode handle = Some i /\ tab s !! i = Some n /\ kind n = Regular data /\ lenZ data < len
    /\ (mem = false \/ isize_max < len) /\ s' = account s (dev n) (len - lenZ data).

Lemma truncate_runs mem handle len :
  wp (truncate_handle_inner mem handle len) s False (fun s' r => match r with
    | Ok _ => 0 <= len /\ exists i data, handle_inode handle = Some i
                /\ (exists n, tab s !! i = Some n /\ kind n = Regular data) /\ new_data i (resized (Z.to_nat len) data) s'
    | Err e => s' = s \/ e = EFBIG /\ refused mem handle len s'
    end).
Proof.
  unfold truncate_handle_inner, refused. apply wp_inode_of. destruct (handle_inode handle) as [i|]; [|auto].
  apply wp_lift_bind. destruct ((0 <=? len) && (len <=? usize_max)) eqn:E0; [|auto]. to_prop. apply wp_get_or_cases. destruct (tab s !! i) as [n|] eqn:Hi; [|auto].
  apply wp_lift_bind. unfold check_mutable. destruct (frozen n) eqn:Hf; [auto|].
  set (old := match kind n with Regular data => lenZ data | _ => len end).
  assert (old - len <= bytes_of n) as Hold.
  { unfold old, bytes_of. pose proof (xattr_bytes_nonneg (xattrs n)). destruct (kind n); lia. }
  assert ((if old <? len then charge (dev n) (len - old) else credit (dev n) (old - len)) s = Some (account s (dev n) (len - old), Ok tt)
    \/ (if old <? len then charge (dev n) (len - old) else credit (dev n) (old - len)) s = Some (s, Err ENOSPC)) as [E|E].
  { destruct (Z.ltb_spec old len); [by apply (charge_account Hs Hx i)|]. left. rewrite (credit_account Hs Hx i n) by (done || lia). do 3 f_equal. lia. }
  2: { unfold wp, op_bind. rewrite E. auto. }
  apply (wp_eq_bind _ _ s (account s (dev n) (len - old)) tt); [done|].
  unfold old in *. destruct (kind n) as [e|data|target|bits|source size] eqn:Hk; try (cbn; left; rewrite Z.sub_diag; apply (account_zero Hs Hx)).
  apply wp_lift_bind. destruct (decide (lenZ data < len /\ (mem = false \/ isize_max < len))) as [[Hlt Hno]|Hyes].
  { assert (grow_file_bytes mem data len EFBIG = Err EFBIG) as ->.
    { unfold grow_file_bytes. rewrite (proj2 (Z.ltb_lt _ _)) by done. destruct Hno as [->|Hno]; [done|].
      rewrite (proj2 (Z.leb_gt _ _)) by done. by rewrite andb_false_r. }
    right. split; [done|]. exists i, n, data. by split_and!. }
  assert (lenZ data < len -> mem = true /\ len <= isize_max) as Hfit.
  { intros Hlt. destruct mem; [split; [done|]; destruct (decide (isize_max < len)); [exfalso; apply Hyes; auto|lia]|exfalso; apply Hyes; auto]. }
  rewrite (grow_resized mem data len EFBIG) by (done || lia).
  apply wp_get_bind. unfold wp, op_modify. split; [lia|]. exists i, data. split; [done|]. split; [eauto|].
  rewrite (modify_put _ i _ n) by done. cbv zeta.
  replace (len - lenZ data) with (lenZ (resized (Z.to_nat len) data) - lenZ data) by (rewrite resized_length; lia).
  apply (put_account i n); auto; destruct (_ =? _); eauto with tmpfs.
Qed.
End Content.

Section GoodContent.
Context {os ps : list nat} {s : TmpfsState} (H : good os ps s).

(** One file has new bytes; everything else is as it was. *)
Definition rewritten (i : nat) (data' : list Z) (s' : TmpfsState) : Prop :=
  good os ps s' /\ exists n n' data, tab s !! i = Some n /\ kind n = Regular data /\ kind n' = Regular data' /\ same_refs n n' /\ xattrs n' = xattrs n
    /\ frozen n = false /\ tab s' = <[i := n']> (tab s) /\ mount_roots s' = mount_roots s /\ now s' = now s.

Lemma new_data_rewritten i data s' : new_data (s := s) i data s' -> rewritten i data s'.
Proof.
  intros (n & n' & d & Hv & K1 & K2 & K3 & K4). split; [by apply (holds_revised H i n n')|]. destruct (revised_tab _ _ _ _ _ Hv) as (T1 & T2 & T3).
  exists n, n', d. by destruct Hv as (Hi & Hr & _).
Qed.

Lemma write_handle_spec mem handle offset buf :
  wp (write mem handle offset buf) s False (fun s' r => match r with
    | Ok k => k = lenZ buf /\ 0 <= offset /\ as_u32 offset + lenZ buf <= usize_max /\ exists i data, handle_inode handle = Some i
                /\ (exists n, tab s !! i = Some n /\ kind n = Regular data) /\ rewritten i (written (Z.to_nat (as_u32 offset)) buf data) s'
    | Err e => s' = s
    end).
Proof.
  destruct (good_slack H) as (x & Hx). eapply wp_mono; [apply (write_runs (good_sound H) Hx)|done|]. intros s' [k|e]; [|done].
  intros (H1 & H2 & H3 & i & data & H4 & H5 & H6). split_and!; try done. exists i, data. split_and!; try done. by apply new_data_rewritten.
Qed.

Lemma truncate_spec mem handle len :
  wp (truncate_handle_inner mem handle len) s False (fun s' r => match r with
    | Ok _ => 0 <= len /\ exists i data, handle_inode handle = Some i
                /\ (exists n, tab s !! i = Some n /\ kind n = Regular data) /\ rewritten i (resized (Z.to_nat len) data) s'
    | Err e => s' = s \/ e = EFBIG /\ refused (s := s) mem handle len s'
    end).
Proof.
  destruct (good_slack H) as (x & Hx). eapply wp_mono; [apply (truncate_runs (good_sound H) Hx)|done|]. intros s' [[]|e]; [|done].
  intros (H1 & i & data & H4 & H5 & H6). split; [done|]. exists i, data. split_and!; try done. by apply new_data_rewritten.
Qed.
End GoodContent.

(** ** Names are left alone *)

Definition same_names (s s' : TmpfsState) : Prop :=
  mount_roots s' = mount_roots s /\ forall d k, names s' d k = names s d k.

Lemma same_names_refl s : same_names s s.
Proof. done. Qed.
Lemma same_names_trans s1 s2 s3 : same_names s1 s2 -> same_names s2 s3 -> same_names s1 s3.
Proof. intros [A1 A2] [B1 B2]. split; [congruence|]. intros d k. by rewrite B2. Qed.
Lemma same_names_at s s' m q : same_names s s' -> at_path s' m q = at_path s m q.
Proof. intros [E1 E2]. unfold at_path. rewrite E1. destruct (mount_roots s !! m) as [[r|]|]; try done. by apply find_ext. Qed.
#[global] Hint Resolve same_names_refl : tmpfs.

Lemma same_names_kind s s' i n n' : tab s !! i = Some n -> is_dir_inode n' = is_dir_inode n -> (forall e, kind n = Dir e -> kind n' = Dir e) ->
  tab s' = <[i := n']> (tab s) -> mount_roots s' = mount_roots s -> same_names s s'.
Proof.
  intros Hi Sd Se T R. split; [done|]. intros d k. rewrite T, (child_put _ i n) by done. case_decide as Ed; [subst d|done].
  unfold child. rewrite Hi. unfold is_dir_inode in Sd. destruct (kind n) as [e| | | |] eqn:Ek; [by rewrite (Se e eq_refl)|..]; by destruct (kind n').
Qed.

Lemma same_names_put s s' i n n' : tab s !! i = Some n -> same_refs n n' -> tab s' = <[i := n']> (tab s) ->
  mount_roots s' = mount_roots s -> same_names s s'.
Proof. intros Hi [Sd Se _ _]. by apply (same_names_kind s s' i n n'). Qed.

Lemma dropped_names {os ps s} (H : good os ps s) i os' ps' s' : dropped (s := s) i os' ps' s' -> same_names s s'.
Proof.
  intros (G & F & T). destruct (tab s !! i) as [n|] eqn:Hi; [|subst; auto with tmpfs]. cbv zeta in T. split; [apply F|].
  destruct (unreferenced _) eqn:Eu.
  - destruct (is_dir_inode n) eqn:Hd.
    + exfalso. destruct (dir_unheld H i n Hi Hd) as (_ & _ & Hu). unfold unreferenced in *. cbn in Eu.
      pose proof (nlink_exact H i n Hi Hd). pose proof (cnt_nonneg (dirb (tab s)) (kids n)). unfold subdirs in *.
      rewrite (proj2 (Z.eqb_neq _ 0)) in Eu by lia. done.
    + apply (names_leaf s s' i); [by apply (file_no_names s i n)|intros j Hj; by rewrite T, lookup_delete_ne|].
      intros k. unfold child. by rewrite T, lookup_delete_eq.
  - intros d k. rewrite T, (child_put _ i n) by done. case_decide as Ed; [subst d|done]. unfold child. by rewrite Hi.
Qed.

(** ** Metadata *)

(** An update that touches neither names, references nor accounts. *)
Definition metadata (f : Inode -> Inode) : Prop :=
  forall n, kind (f n) = kind n /\ dev (f n) = dev n /\ nlink (f n) = nlink n /\ open_count (f n) = open_count n
    /\ map_pins (f n) = map_pins n /\ xattrs (f n) = xattrs n.

Lemma metadata_id : metadata (fun n => n).
Proof. done. Qed.
Lemma metadata_mode md t : metadata (set_mode md t).
Proof. done. Qed.
Lemma metadata_owner u g b t : metadata (set_owner u g b t).
Proof. intros n. unfold set_owner. by destruct b. Qed.
Lemma metadata_times a m c : metadata (fun n => with_times n a m c).
Proof. done. Qed.
Lemma metadata_seed md u g : metadata (fun n => with_owner (with_mode n md) u g).
Proof. done. Qed.
Lemma metadata_frozen b : metadata (fun n => with_frozen n b).
Proof. done. Qed.
#[global] Hint Resolve metadata_id metadata_mode metadata_owner metadata_times metadata_seed metadata_frozen : tmpfs.

Lemma metadata_put {os ps s} (H : good os ps s) f i n : metadata f -> tab s !! i = Some n ->
  good os ps (put s i (f n)) /\ same_names s (put s i (f n)).
Proof.
  intros Hf Hi. destruct (Hf n) as (E1 & E2 & E3 & E4 & E5 & E6). split; [by apply (holds_meta H i n)|].
  apply (same_names_put s _ i n (f n)); [done| |by apply (tab_put s i n)|done].
  split; [unfold is_dir_inode; by rewrite E1|intros e; by rewrite E1|done..].
Qed.

(** What a query or an update of one inode leaves: the names of a state in
    which mounts may have been made. *)
Definition kept (os ps : list nat) (s s' : TmpfsState) : Prop :=
  good os ps s' /\ exists s1, extends s s1 /\ same_names s1 s'.

Lemma kept_extends os ps s s' : good os ps s' -> extends s s' -> kept os ps s s'.
Proof. intros H E. split; [done|]. exists s'. auto with tmpfs. Qed.
Lemma kept_refl os ps s : good os ps s -> kept os ps s s.
Proof. intros. apply kept_extends; auto with tmpfs. Qed.
#[global] Hint Resolve kept_extends kept_refl : tmpfs.

Lemma walk_path_spec {os ps s} (H : good os ps s) path :
  wp (walk_path path) s True (fun s' x => good os ps s' /\ extends s s' /\
    match x with
    | Ok i => exists m rel, match_mount path = Some (m, rel) /\ at_path s' m (split_components rel) = Some i /\ is_Some (tab s' !! i)
    | Err _ => True
    end).
Proof.
  unfold walk_path. apply wp_locate. destruct (match_mount path) as [[m rel]|] eqn:M1; [|auto with tmpfs]. cbn [fst snd].
  eapply wp_spec_bind; [apply (mount_root_spec H m)|done| |by intros s' e (r & ? & _)].
  intros s1 root (r & E & H1 & X1 & Mr). injection E as <-. unfold wp, walk_from.
  pose proof (walk_spec s1 root (split_components rel)) as Hw. split; [done|]. split; [done|].
  destruct (walk s1 root _) as [i|e]; [|done]. destruct (root_live H1 m root Mr) as (nr & _ & Hr & _).
  destruct (find_dev H1 root _ i nr Hr Hw) as (n & Hi & _). exists m, rel. split; [done|]. rewrite (at_mounted _ _ _ _ Mr). eauto.
Qed.

Definition finds (os ps : list nat) (s : TmpfsState) (find : op TmpfsState nat) : Prop :=
  wp find s True (fun s' x => good os ps s' /\ extends s s').
Lemma finds_path {os ps s} (H : good os ps s) path : finds os ps s (walk_path path).
Proof. eapply wp_mono; [apply (walk_path_spec H)|done|]. by intros s' x (? & ? & _). Qed.
Lemma finds_handle {os ps s} (H : good os ps s) handle : finds os ps s (inode_of handle).
Proof. unfold finds, wp, inode_of, op_lift. auto with tmpfs. Qed.

Lemma update_spec {os ps s} find e f : finds os ps s find -> (forall t, metadata (f t)) ->
  wp (update_mutable find e f) s True (fun s' x => kept os ps s s').
Proof.
  intros Hfind Hf. unfold update_mutable. eapply wp_spec_bind; [exact Hfind|done| |intros s1 e1 [? ?]; auto with tmpfs].
  intros s1 i [H1 X1]. apply wp_get_or_cases. destruct (tab s1 !! i) as [n|] eqn:Hi; [|auto with tmpfs].
  apply wp_lift_bind. destruct (check_mutable n); [|auto with tmpfs]. apply wp_get_bind. unfold wp, op_modify.
  rewrite (modify_put s1 i _ n) by done. destruct (metadata_put H1 (f (now s1)) i n (Hf _) Hi). split; [done|]. eauto.
Qed.

(** A closure on the inode of a path or of a handle. *)
Lemma with_inode_spec {R} {os ps s} (H : good os ps s) i (f : Inode -> result (Inode * R)) n : tab s !! i = Some n ->
  (forall n' r, f n = Ok (n', r) -> exists g, metadata g /\ n' = g n) ->
  wp (do! made <- op_lift (f n); do! _ <- op_modify (fun s => put s i (fst made)); op_ret (snd made)) s False
    (fun s' x => good os ps s' /\ same_names s s').
Proof.
  intros Hi Hf. apply wp_lift_bind. destruct (f n) as [[n' r]|e]; [|auto with tmpfs].
  destruct (Hf n' r eq_refl) as (g & Hg & ->). by apply (metadata_put H g i n).
Qed.

Lemma resolve_target {os ps s} (H : good os ps s) path :
  wp (resolve_at path) s True (fun s' x => good os ps s' /\ extends s s' /\
    match x with Ok (_, _, Some i) => is_Some (tab s' !! i) | _ => True end).
Proof.
  unfold resolve_at. apply wp_locate. destruct (match_mount path) as [[m rel]|]; [|auto with tmpfs]. cbn [fst snd].
  eapply wp_mono; [apply (resolve_spec H)|done|]. intros s' x (H1 & X1 & root & M & R). split_and!; auto.
  destruct x as [[[p name] [i|]]|e]; try done. by apply (target_live H1 m root (split_components rel) p name i).
Qed.

Lemma with_state_spec {R} {os ps s} (H : good os ps s) path (f : nat -> op TmpfsState R) :
  (forall s1 i n, good os ps s1 -> tab s1 !! i = Some n -> wp (f i) s1 True (fun s' _ => good os ps s' /\ same_names s1 s')) ->
  wp (with_state_at path f) s True (fun s' x => kept os ps s s').
Proof.
  intros Hf. unfold with_state_at. eapply wp_spec_bind; [apply (resolve_target H)|done| |intros s' e (? & ? & _); auto with tmpfs].
  intros s1 [[p name] target] (H1 & X1 & Ht). cbn [snd]. apply wp_ok_or_bind. destruct target as [i|]; [|auto with tmpfs].
  destruct Ht as [n Hi]. eapply wp_mono; [by apply (Hf s1 i n)|done|]. intros s' x [? ?]. split; eauto.
Qed.

Lemma with_inode_at_spec {R} {os ps s} (H : good os ps s) path (f : Inode -> result (Inode * R)) :
  (forall n n' r, f n = Ok (n', r) -> exists g, metadata g /\ n' = g n) -> wp (with_inode_at path f) s True (fun s' x => kept os ps s s').
Proof.
  intros Hf. apply (with_state_spec H path (fun i => do! n <- get_or i ENOENT; do! made <- op_lift (f n); do! _ <- op_modify (fun s => put s i (fst made)); op_ret (snd made))).
  intros s1 i n H1 Hi. apply (wp_get_or i _ n); [done|]. eapply wp_mono; [apply (with_inode_spec H1 i f n Hi); eauto|done|]. by intros.
Qed.

Lemma with_inode_handle_spec {R} {os ps s} (H : good os ps s) handle (f : Inode -> result (Inode * R)) :
  (forall n n' r, f n = Ok (n', r) -> exists g, metadata g /\ n' = g n) -> wp (with_inode_handle handle f) s True (fun s' x => kept os ps s s').
Proof.
  intros Hf. unfold with_inode_handle. apply wp_inode_of. destruct (handle_inode handle) as [i|]; [|auto with tmpfs].
  apply wp_get_or_cases. destruct (tab s !! i) as [n|] eqn:Hi; [|auto with tmpfs].
  eapply wp_mono; [apply (with_inode_spec H i f n Hi); eauto|done|]. intros s' x [? ?]. split; [done|]. exists s. auto with tmpfs.
Qed.
