(* ===== verification/TmpfsOpen.v ===== *)
(** * Opening files and extended attributes of the in-memory file system *)

From S2P Require Import Prelude Path NameTree Tmpfs TmpfsInv TmpfsSteps TmpfsOps TmpfsMove TmpfsData.

(** ** Extended attributes *)

Lemma xattr_bytes_insert x name v : x !! name = None -> xattr_bytes (<[name := v]> x) = lenZ name + lenZ v + xattr_bytes x.
Proof. intros E. unfold xattr_bytes. rewrite map_fold_insert_L; [done|intros; lia|done]. Qed.
Lemma xattr_bytes_delete x name v : x !! name = Some v -> xattr_bytes x = lenZ name + lenZ v + xattr_bytes (delete name x).
Proof. intros E. rewrite <- (insert_delete_id x name v E) at 1. apply xattr_bytes_insert, lookup_delete_eq. Qed.
Lemma xattr_bytes_update x name v :
  xattr_bytes (<[name := v]> x) = xattr_bytes x + lenZ name + lenZ v - match x !! name with Some o => lenZ name + lenZ o | None => 0 end.
Proof.
  destruct (x !! name) as [o|] eqn:E; [|rewrite xattr_bytes_insert by done; lia].
  rewrite <- insert_delete_eq, xattr_bytes_insert by apply lookup_delete_eq. rewrite (xattr_bytes_delete x name o E). lia.
Qed.

Lemma same_refs_xattrs n x : same_refs n (with_xattrs n x).
Proof. by split. Qed.
#[global] Hint Resolve same_refs_xattrs : tmpfs.

Section StoreRuns.
Context {s : TmpfsState} {x : Z -> Z} (Hs : sound s) (Hx : slack x s).

(** The attribute is stored, replaced or removed, and the account of the
    mount with it; an error changes nothing. *)
Lemma store_runs i name value enforce :
  wp (store_xattr i name value enforce) s False (fun s' r => match r with
    | Ok _ => exists n n', revised s i n n' s' /\ kind n' = kind n
                /\ xattrs n' = match value with Some v => <[name := v]> (xattrs n) | None => delete name (xattrs n) end
    | Err e => s' = s
    end).
Proof.
  unfold store_xattr. apply wp_get_or_cases. destruct (tab s !! i) as [n|] eqn:Hi; [|done]. apply wp_lift_bind.
  destruct (if enforce then check_mutable n else Ok tt); [|done]. apply wp_get_bind. destruct value as [v|].
  - set (old := match xattrs n !! name with Some _ => _ | None => None end). destruct (_ && _); [done|].
    set (old_size := match old with Some o => o | None => 0 end). set (x' := <[name := v]> (xattrs n)).
    set (n' := touch_changed (now s) (with_xattrs n x')).
    assert (bytes_of n' - bytes_of n = lenZ name + lenZ v - old_size /\ old_size <= bytes_of n) as [Eb Ho].
    { unfold bytes_of, n'. cbn [kind xattrs touch_changed with_times with_xattrs]. unfold x'. rewrite xattr_bytes_update.
      unfold old_size, old. pose proof (xattr_bytes_nonneg (delete name (xattrs n))) as H0. destruct (xattrs n !! name) as [o|] eqn:E.
      - rewrite (xattr_bytes_delete _ _ _ E). destruct (kind n); lia.
      - pose proof (xattr_bytes_nonneg (xattrs n)). destruct (kind n); lia. }
    assert ((if old_size <? lenZ name + lenZ v then charge (dev n) (lenZ name + lenZ v - old_size) else credit (dev n) (old_size - (lenZ name + lenZ v))) s
        = Some (account s (dev n) (bytes_of n' - bytes_of n), Ok tt)
      \/ (if old_size <? lenZ name + lenZ v then charge (dev n) (lenZ name + lenZ v - old_size) else credit (dev n) (old_size - (lenZ name + lenZ v))) s
        = Some (s, Err ENOSPC)) as [E|E].
    { rewrite Eb. destruct (Z.ltb_spec old_size (lenZ name + lenZ v)); [by apply (charge_account Hs Hx i)|]. left.
      rewrite (credit_account Hs Hx i n) by (done || lia). do 3 f_equal. lia. }
    2: { unfold wp, op_bind. by rewrite E. }
    apply (wp_eq_bind _ _ s (account s (dev n) (bytes_of n' - bytes_of n)) tt); [done|]. unfold wp, op_modify.
    rewrite (modify_put _ i _ n) by done. exists n, n'. split; [|done]. split; [done|]. split; [unfold n'; auto with tmpfs|done].
  - destruct (xattrs n !! name) as [o|] eqn:E; [|done]. apply wp_ok_or_bind. cbv iota beta. apply wp_modify_bind. rewrite (modify_put s i _ n) by done.
    set (n' := touch_changed (now s) (with_xattrs n (delete name (xattrs n)))).
    assert (bytes_of n' - bytes_of n = - (lenZ name + lenZ o)) as Eb.
    { unfold bytes_of, n'. cbn [kind xattrs touch_changed with_times with_xattrs]. rewrite (xattr_bytes_delete _ _ _ E). lia. }
    pose proof (bytes_of_nonneg n'). apply (wp_eq _ _ _ _ _ _ (credit_put Hs Hx i n n' (lenZ name + lenZ o) Hi ltac:(lia))). rewrite <- Eb.
    exists n, n'. split; [|done]. split; [done|]. split; [unfold n'; auto with tmpfs|done].
Qed.
End StoreRuns.

Section Xattrs.
Context {os ps : list nat} {s : TmpfsState} (H : good os ps s).

Lemma store_xattr_spec i name value enforce :
  wp (store_xattr i name value enforce) s False (fun s' r => match r with
    | Ok _ => good os ps s' /\ exists n n', tab s !! i = Some n /\ tab s' = <[i := n']> (tab s) /\ same_refs n n' /\ mount_roots s' = mount_roots s
                /\ kind n' = kind n /\ xattrs n' = match value with Some v => <[name := v]> (xattrs n) | None => delete name (xattrs n) end
    | Err e => s' = s
    end).
Proof.
  destruct (good_slack H) as (x & Hx). eapply wp_mono; [apply (store_runs (good_sound H) Hx)|done|]. intros s' [[]|e]; [|done].
  intros (n & n' & Hv & K1 & K2). destruct (revised_tab _ _ _ _ _ Hv) as (T1 & T2 & _). split; [by apply (holds_revised H i n n')|].
  exists n, n'. by destruct Hv as (Hi & Hr & _).
Qed.

Lemma store_kept i name value enforce : wp (store_xattr i name value enforce) s True (fun s' _ => good os ps s' /\ same_names s s').
Proof.
  eapply wp_mono; [apply store_xattr_spec|done|]. intros s' [[]|e] Hx; [|by subst]. destruct Hx as (G & n & n' & Hi & T & S & R & _).
  split; [done|]. by apply (same_names_put s s' i n n').
Qed.
End Xattrs.

(** ** Opening *)

Lemma handle_of_inode s i n : slab_ok s -> tab s !! i = Some n -> handle_inode (inode_to_file_handle i) = Some i.
Proof.
  intros (_ & _ & Hs) Hi. rewrite tab_get in Hi. apply get_lt, lookup_lt_Some in Hi.
  assert (Z.of_nat i < SLAB_MAX) as Hlt by lia. unfold SLAB_MAX in Hlt.
  unfold handle_inode, file_handle_to_inode, is_tmpfs_file_handle, inode_to_file_handle, try_u32, TMPFS_FILE_HANDLE_BASE, TMPFS_DIR_HANDLE_BASE.
  rewrite (proj2 (Z.leb_le _ _)), (proj2 (Z.ltb_lt _ _)) by lia. cbn [andb].
  rewrite (proj2 (Z.leb_le _ _)), (proj2 (Z.leb_le _ _)) by (unfold u32_max; lia). cbn. f_equal. lia.
Qed.

Section Open.
Context {os ps : list nat} {s : TmpfsState} (H : good os ps s).

Lemma add_open_spec i e n : tab s !! i = Some n -> is_dir_inode n = false ->
  wp (add_open i e) s True (fun s' x => x = Ok tt /\ good (i :: os) ps s'
    /\ s' = put s i (with_refs n (nlink n) (open_count n + 1) (map_pins n))).
Proof.
  intros Hi Hd. unfold add_open. apply (wp_get_or i _ n); [done|]. unfold checked_add. destruct (_ <=? u32_max); [|done].
  apply (wp_some_bind _ (open_count n + 1)); [done|]. unfold wp, op_modify. rewrite (modify_put s i _ n) by done. split; [done|].
  split; [|done]. destruct (f_refs _ _ _ _ _ _ _ _ (holds_fs H) i n Hi) as (R1 & R2 & _).
  rewrite R1, R2. replace (occ i os + 1) with (occ i (i :: os)) by (rewrite occ_more, decide_True by done; lia).
  apply (holds_more H i n (i :: os) ps); auto; [|rewrite occ_more, decide_True by done; lia|lia].
  intros j Hj. by rewrite occ_more, decide_False.
Qed.

End Open.

(** An existing file, emptied when the flags ask for it ([cut]). *)
Definition emptied (cut : bool) (n n' : Inode) : Prop :=
  if cut then (forall data, kind n = Regular data -> kind n' = Regular []) /\ ((forall data, kind n <> Regular data) -> n' = n) else n' = n.

Section OpenRuns.
Context {s : TmpfsState} {x : Z -> Z} (Hs : sound s) (Hx : slack x s).

Definition reopens (cut : bool) (i : nat) (n : Inode) (s' : TmpfsState) (r : result nat) : Prop :=
  match r with
  | Err _ => s' = s
  | Ok j => j = i /\ exists n', revised s i n n' s' /\ xattrs n' = xattrs n /\ emptied cut n n'
  end.

Lemma reopens_same (cut : bool) i n : tab s !! i = Some n -> (cut = true -> forall data, kind n <> Regular data) -> wp (op_ret i) s False (reopens cut i n).
Proof.
  intros Hi Hno. cbn. split; [done|]. exists n. split; [|split; [done|]].
  - split; [done|]. split; [auto with tmpfs|]. rewrite Z.sub_diag, (account_zero Hs Hx). symmetry. apply put_same. by rewrite <- tab_get.
  - unfold emptied. destruct cut; [|done]. split; [|done]. intros data E. by destruct (Hno eq_refl data).
Qed.

Lemma reopens_empty i n data : tab s !! i = Some n -> kind n = Regular data ->
  wp (do! _ <- credit (dev n) (lenZ data); do! t <- op_get now; do! _ <- op_modify (modify i (empty_inode t data)); op_ret i) s False (reopens true i n).
Proof.
  intros Hi Ek. assert (lenZ data <= bytes_of n) as Hb.
  { unfold bytes_of. rewrite Ek. pose proof (xattr_bytes_nonneg (xattrs n)). lia. }
  apply (wp_eq_bind _ _ _ _ _ _ _ (credit_account Hs Hx i n (lenZ data) Hi Hb)), wp_get_bind, wp_modify_bind. rewrite (modify_put _ i _ n) by done.
  set (n' := empty_inode _ data n). assert (same_refs n n' /\ kind n' = Regular [] /\ xattrs n' = xattrs n) as (S1 & S2 & S3).
  { unfold n', empty_inode. case_bool_decide; split_and!; eauto with tmpfs. }
  assert (- lenZ data = bytes_of n' - bytes_of n) as -> by (unfold bytes_of; rewrite Ek, S2, S3; cbn; lia).
  cbn [wp op_ret reopens]. split; [done|]. exists n'. split; [done|]. split; [done|]. unfold emptied. split; [done|]. intros Hno. by destruct (Hno data).
Qed.

Lemma open_existing_runs flags i n : tab s !! i = Some n -> wp (open_existing flags i) s False (reopens (truncates flags) i n).
Proof.
  intros Hi. unfold open_existing. destruct (_ && _); [done|]. apply (wp_get_or i _ n); [done|]. cbv zeta. unfold truncates.
  set (c := negb (Z.land flags O_ACCMODE =? O_RDONLY)).
  assert (forall b, wp (if b && (c || has_flag flags O_TRUNC) then op_err EPERM
            else if is_dir_inode n && c then op_err EISDIR
            else if negb (is_dir_inode n) && has_flag flags O_DIRECTORY then op_err ENOTDIR
            else if has_flag flags O_TRUNC && negb (is_dir_inode n) && c then
              match kind n with
              | Regular data => do! _ <- credit (dev n) (lenZ data); do! t <- op_get now; do! _ <- op_modify (modify i (empty_inode t data)); op_ret i
              | _ => op_ret i
              end
            else op_ret i) s False (reopens (has_flag flags O_TRUNC && c) i n)) as Hmain.
  { intros b. destruct (_ && _); [done|]. destruct (_ && _); [done|]. destruct (_ && has_flag flags O_DIRECTORY); [done|].
    destruct (has_flag flags O_TRUNC), c; cbn [andb]; rewrite ?andb_false_r, ?andb_true_r; try (by apply reopens_same).
    unfold is_dir_inode. destruct (kind n) as [e|data| | |] eqn:Ek; cbn [negb]; try (apply reopens_same; [done|]; intros; by rewrite Ek).
    by apply reopens_empty. }
  destruct (kind n) eqn:Ek; try done; apply Hmain.
Qed.
End OpenRuns.

Section Reopen.
Context {os ps : list nat} {s : TmpfsState} (H : good os ps s).

Definition reopened (cut : bool) (i : nat) (n : Inode) (s' : TmpfsState) (r : result nat) : Prop :=
  match r with
  | Err _ => s' = s
  | Ok j => j = i /\ good os ps s' /\ same_names s s'
      /\ exists n', tab s' = <[i := n']> (tab s) /\ same_refs n n' /\ xattrs n' = xattrs n /\ emptied cut n n'
  end.

Lemma open_existing_spec flags i n : tab s !! i = Some n -> wp (open_existing flags i) s False (reopened (truncates flags) i n).
Proof.
  intros Hi. destruct (good_slack H) as (x & Hx). eapply wp_mono; [by apply (open_existing_runs (good_sound H) Hx)|done|]. intros s' [j|e]; [|done].
  intros (-> & n' & Hv & K1 & K2). destruct (revised_tab _ _ _ _ _ Hv) as (T1 & T2 & _). split; [done|]. split; [by apply (holds_revised H i n n')|].
  destruct Hv as (_ & Hr & _). split; [by apply (same_names_put s _ i n n')|]. by exists n'.
Qed.
End Reopen.

(** A handle on a file that was there, or that is new under its name. *)
Definition opened (os ps : list nat) (s : TmpfsState) (path : list Z) (flags md : Z) (s' : TmpfsState) (handle : Z) : Prop :=
  exists m rel s1 i, match_mount path = Some (m, rel) /\ good os ps s1 /\ extends s s1 /\ handle = inode_to_file_handle i /\ handle_inode handle = Some i
    /\ good (i :: os) ps s' /\
    match at_path s1 m (split_components rel) with
    | Some j => j = i /\ same_names s1 s' /\ exists n n', tab s1 !! i = Some n /\ is_dir_inode n = false /\ same_refs n n' /\ emptied (truncates flags) n n'
                  /\ tab s' = <[i := with_refs n' (nlink n') (open_count n' + 1) (map_pins n')]> (tab s1)
    | None => has_flag flags O_CREAT = true /\ added s1 s' m (split_components rel) i /\ tab s1 !! i = None
                /\ mount_roots s' = mount_roots s1
                /\ exists n, tab s' !! i = Some n /\ kind n = Regular [] /\ mode n = Z.land md PERMISSIONS /\ nlink n = 1 /\ open_count n = 1
    end.

Lemma opened_new {os ps s1} (H1 : good os ps s1) s2 m root c p name i nd s3 : resolved m root c s1 p (Some name) None -> good os ps s2 ->
  created s1 s2 p name i nd -> is_dir_inode nd = false ->
  tab s3 = <[i := with_refs nd (nlink nd) (open_count nd + 1) (map_pins nd)]> (tab s2) -> mount_roots s3 = mount_roots s2 ->
  at_path s1 m c = None /\ added s1 s3 m c i /\ mount_roots s3 = mount_roots s1.
Proof.
  intros R H2 Hc Hd T3 R3. destruct (resolved_parent H1 m root c p name None R) as (q & np & mt & -> & Hq & Hp & Hdp & Hmt & Hv & Hn).
  assert (at_path s1 m (q ++ [name]) = None) as An.
  { rewrite (at_mounted _ _ _ _ (r_mounted _ _ _ _ _ _ _ R)), find_snoc, Hq. done. }
  assert (same_names s2 s3) as Hs by by apply (same_names_kind s2 s3 i nd (with_refs nd (nlink nd) (open_count nd + 1) (map_pins nd)) (c_node _ _ _ _ _ _ Hc) eq_refl (fun e E => E) T3 R3).
  split; [done|]. split; [|by rewrite R3, (c_roots _ _ _ _ _ _ Hc)]. intros m' q'. rewrite (same_names_at s2 s3) by done.
  assert (isd (tab s1) p) as Hdp' by (unfold isd, dirb; by rewrite Hp).
  apply (added_bind H1 m root q p name (r_mounted _ _ _ _ _ _ _ R) Hq Hdp' s2 (c_roots _ _ _ _ _ _ Hc)); [apply Hc|done|..].
  - apply fresh_no_names, Hc.
  - intros ->. rewrite (c_fresh _ _ _ _ _ _ Hc) in Hp. done.
Qed.

Lemma open_finish {os ps s} (H : good os ps s) flags i n : tab s !! i = Some n ->
  wp (do! n <- get_or i ENOENT;
      if is_dir_inode n then op_err EISDIR
      else do! _ <- add_open i ENOENT;
           do! _ <- (if truncates flags then emit (Truncated (inode_to_file_handle i) 0) else op_ret tt);
           op_ret (inode_to_file_handle i)) s True
    (fun s' x => match x with
       | Err e => is_dir_inode n = true /\ s' = s
       | Ok h => h = inode_to_file_handle i /\ is_dir_inode n = false /\ good (i :: os) ps s' /\ mount_roots s' = mount_roots s
                   /\ tab s' = <[i := with_refs n (nlink n) (open_count n + 1) (map_pins n)]> (tab s)
       end).
Proof.
  intros Hi. apply (wp_get_or i _ n); [done|]. destruct (is_dir_inode n) eqn:Hd; [done|].
  eapply wp_spec_bind; [apply (add_open_spec H i ENOENT n Hi Hd)|done| |by intros s' e (? & _)].
  intros s1 [] (_ & G & E). assert (tab s1 = <[i := with_refs n (nlink n) (open_count n + 1) (map_pins n)]> (tab s)) as T by (rewrite E; by apply (tab_put s i n)).
  assert (mount_roots s1 = mount_roots s) as R by by rewrite E. destruct (truncates flags); cbn; by split_and!.
Qed.

Lemma open_spec {os ps s} (H : good os ps s) path flags md u g :
  wp (open path flags md u g) s True (fun s' x => match x with
    | Err e => good os ps s' /\ extends s s'
    | Ok h => opened os ps s path flags md s' h
    end).
Proof.
  unfold open. apply wp_locate. destruct (match_mount path) as [[m rel]|] eqn:M1; [|auto with tmpfs]. cbn [fst snd].
  set (c := split_components rel). eapply wp_spec_bind; [apply (resolve_spec H)|done| |by intros s1 e (H1 & X1 & _)].
  intros s1 [[p name] target] (H1 & X1 & root & Mr & R). destruct (root_live H1 m root Mr) as (nr & mt & _ & _ & Hmt & _).
  apply (wp_mount_dev m mt); [done|]. destruct target as [i|].
  - destruct (target_live H1 m root c p name i R) as [Fi [n Hi]].
    eapply wp_spec_bind; [apply (open_existing_spec H1 flags i n Hi)|done| |by intros s2 e ->].
    intros s2 j (-> & H2 & N2 & n' & T2 & S2 & X2 & E2).
    assert (tab s2 !! i = Some n') as Hi2 by (rewrite T2; apply lookup_insert_eq).
    eapply wp_mono; [apply (open_finish H2 flags i n' Hi2)|done|]. intros s3 [h|e] Hx.
    + destruct Hx as (-> & Hd & G & R3 & T3). exists m, rel, s1, i. split_and!; auto.
      { apply (handle_of_inode s2 i n'); [apply H2|done]. }
      assert (at_path s1 m (split_components rel) = Some i) as -> by by rewrite (at_mounted _ _ _ _ Mr).
      split; [done|]. split.
      { apply (same_names_trans _ s2); [done|]. by apply (same_names_kind s2 s3 i n' (with_refs n' (nlink n') (open_count n' + 1) (map_pins n')) Hi2 eq_refl (fun e E => E) T3). }
      exists n, n'. split_and!; auto; [by rewrite <- (sr_dir _ _ S2)|]. rewrite T3, T2. by rewrite insert_insert_eq.
    + destruct Hx as [Hd ->]. rewrite (sr_dir _ _ S2) in Hd. split; [done|].
      assert (n' = n) as ->.
      { unfold emptied in E2. destruct (truncates flags); [|done]. apply E2. intros data Ek. unfold is_dir_inode in Hd. by rewrite Ek in Hd. }
      apply (extends_trans _ s1); [done|]. split; [|by rewrite (proj1 N2)]. intros j nj Hj. rewrite T2. by rewrite insert_id.
  - unfold open_create. destruct (has_flag flags O_CREAT) eqn:Ec; cbn [negb]; [|cbn; auto].
    destruct (has_flag flags O_DIRECTORY); [cbn; auto|]. destruct name as [name|]; [|by destruct R as [_ (_ & _ & ?)]].
    cbn [ok_or op_lift]. destruct (resolved_parent H1 m root c p name None R) as (q & np & mt' & Eq & Hq & Hp & Hdp & Hmt' & Hv & Hn).
    apply wp_assoc, wp_lift_bind. set (mk := fun t i => new_inode t (Regular []) (Z.land md PERMISSIONS) u g 1 (m_dev mt) i).
    assert (mt' = mt) as -> by congruence.
    eapply wp_spec_bind; [apply (add_node_spec H1 root q p name np (m_dev mt)) with (mk := mk); auto|done| |by intros s2 e (? & ? & ? & _)].
    + by apply (root_in Mr).
    + apply (split_components_proper rel). fold c. rewrite Eq. apply in_or_app. right. by left.
    + intros t i. by apply fresh_file.
    + intros s2 i (i' & nd & E & Hc & Hf & (t & ino & End) & Hg & _). injection E as <-.
      assert (is_dir_inode nd = false) as Hd by by rewrite End. rewrite Hd in Hg. pose proof (c_node _ _ _ _ _ _ Hc) as Hi2.
      eapply wp_mono; [apply (open_finish Hg flags i nd Hi2)|done|]. intros s3 [h|e] Hx; [|destruct Hx; congruence].
      destruct Hx as (-> & _ & G & R3 & T3). exists m, rel, s1, i. split_and!; auto.
      { apply (handle_of_inode s2 i nd); [apply Hg|done]. }
      destruct (opened_new H1 s2 m root c p name i nd s3 R Hg Hc Hd T3 R3) as (A1 & A2 & A3). fold c. rewrite A1. split_and!; auto.
      * apply Hc.
      * eexists. split; [rewrite T3; apply lookup_insert_eq|]. by rewrite End.
Qed.
