(* ===== verification/TmpfsRun.v ===== *)
(** * Runs of the in-memory file system

    The calls of Tmpfs.v as one step function, the namespace they implement,
    and the invariant of TmpfsInv.v in every state a sequence of calls can
    reach. *)

From S2P Require Import Prelude Path NameTree Tmpfs TmpfsInv TmpfsSteps TmpfsOps TmpfsMove TmpfsTree TmpfsData TmpfsOpen.

(** ** Calls *)

Inductive Call : Type :=
  | COpen (path : list Z) (flags md u g : Z)
  | CRead (handle offset : Z) (size : nat)
  | CWrite (mem : bool) (handle offset : Z) (buf : list Z)
  | CTruncate (mem : bool) (handle len : Z)
  | CAddRef (handle : Z)
  | CRelease (handle : Z)
  | CPin (handle : Z)
  | CUnpin (handle : Z)
  | CMkdir (path : list Z) (md u g : Z)
  | CMknod (path : list Z) (md u g bits : Z)
  | CSymlink (target path : list Z) (u g : Z)
  | CHostBacked (path : list Z) (source size md u g : Z) (modified : Z * Z)
  | CRmdir (path : list Z)
  | CUnlink (path : list Z)
  | CRemoveTree (path : list Z)
  | CRename (old_path new_path : list Z)
  | CLink (old_path new_path : list Z)
  | CLstat (path : list Z)
  | CFstat (handle : Z)
  | CReadlink (path : list Z) (size : nat)
  | CChmod (path : list Z) (md : Z)
  | CChown (path : list Z) (u g : Z) (clear_setid : bool)
  | CFchmod (handle md : Z)
  | CFchown (handle u g : Z) (clear_setid : bool)
  | CUtimensat (path : list Z) (accessed modified changed : Z * Z)
  | CGetXattr (path name : list Z)
  | CSetXattr (path name value : list Z)
  | CRemoveXattr (path name : list Z)
  | CSetXattrHandle (handle : Z) (name value : list Z)
  | CRemoveXattrHandle (handle : Z) (name : list Z)
  | CSetXattrKernel (path name value : list Z)
  | CFreeze (path : list Z)
  | COpendir (path : list Z)
  | CReaddir (handle : Z) (size : nat)
  | CClosedir (handle : Z)
  | CGetdents (path buf : list Z) (offset : Z)
  | CSetLimit (p : list Z) (limit : option Z)
  | CSetNow (sec nsec : Z)
  | CTakeReleased.

Inductive Reply : Type := Done | Handle (handle : Z) | Data (bytes : list Z).

Definition silent {A} (m : op TmpfsState A) : op TmpfsState Reply := do! _ <- m; op_ret Done.

Section Run.
Context (source_read : Z -> Z -> Z -> result (list Z)).

Definition run (c : Call) : op TmpfsState Reply :=
  match c with
  | COpen path flags md u g => do! h <- open path flags md u g; op_ret (Handle h)
  | CRead h offset size => do! bytes <- read source_read h offset size; op_ret (Data bytes)
  | CWrite mem h offset buf => silent (write mem h offset buf)
  | CTruncate mem h len => silent (truncate_handle mem h len)
  | CAddRef h => silent (add_ref_handle h)
  | CRelease h => silent (release_handle h)
  | CPin h => silent (pin_mapping h)
  | CUnpin h => silent (unpin_mapping h)
  | CMkdir path md u g => silent (mkdir path md u g)
  | CMknod path md u g bits => silent (mknod_special path md u g bits)
  | CSymlink target path u g => silent (symlink target path u g)
  | CHostBacked path source size md u g modified => silent (create_host_backed path source size md u g modified)
  | CRmdir path => silent (rmdir path)
  | CUnlink path => silent (unlink path)
  | CRemoveTree path => silent (remove_tree path)
  | CRename old_path new_path => silent (rename old_path new_path)
  | CLink old_path new_path => silent (link old_path new_path)
  | CLstat path => silent (lstat path)
  | CFstat h => silent (fstat h)
  | CReadlink path size => do! bytes <- readlink path size; op_ret (Data bytes)
  | CChmod path md => silent (chmod path md)
  | CChown path u g b => silent (chown path u g b)
  | CFchmod h md => silent (fchmod h md)
  | CFchown h u g b => silent (fchown h u g b)
  | CUtimensat path a m c => silent (utimensat path a m c)
  | CGetXattr path name => do! v <- xattr_get path name; op_ret (Data v)
  | CSetXattr path name v => silent (xattr_set path name v)
  | CRemoveXattr path name => silent (xattr_remove path name)
  | CSetXattrHandle h name v => silent (xattr_set_handle h name v)
  | CRemoveXattrHandle h name => silent (xattr_remove_handle h name)
  | CSetXattrKernel path name v => silent (xattr_set_kernel path name v)
  | CFreeze path => silent (freeze path)
  | COpendir path => do! h <- opendir path; op_ret (Handle h)
  | CReaddir h size => silent (readdir h size)
  | CClosedir h => silent (closedir h)
  | CGetdents path buf offset => do! l <- getdents64 path buf offset; op_ret (Data (fst (fst (fst l))))
  | CSetLimit p limit => silent (set_byte_limit p limit)
  | CSetNow sec nsec => silent (set_now sec nsec)
  | CTakeReleased => silent take_released_sources
  end.
End Run.

(** ** The namespace

    What a call does to the names, in terms of the paths alone. *)

Definition Namespace : Type := nat -> list (list Z) -> option nat.
Inductive Change : Type :=
  | Keep
  | Add (m : nat) (q : list (list Z)) (i : nat)
  | Remove (m : nat) (q : list (list Z))
  | Move (m : nat) (q q2 : list (list Z)).

Definition changed (ch : Change) (F : Namespace) : Namespace := fun m' q' =>
  match ch with
  | Keep => F m' q'
  | Add m q i => if decide (m' = m /\ q' = q) then Some i else F m' q'
  | Remove m q => if decide (m' = m /\ q `prefix_of` q') then None else F m' q'
  | Move m q q2 =>
      if decide (m' = m) then
        if decide (q2 `prefix_of` q') then F m (q ++ drop (length q2) q')
        else if decide (q `prefix_of` q') then None else F m q'
      else F m' q'
  end.

(** Mount and components of a path. *)
Definition place (path : list Z) (m : nat) (q : list (list Z)) : Prop :=
  exists rel, match_mount path = Some (m, rel) /\ q = split_components rel.

(** The change of a successful call; a call that fails changes nothing. *)
Definition effect (c : Call) (F : Namespace) (ch : Change) : Prop :=
  match c with
  | COpen path _ _ _ _ => exists m q, place path m q /\ match F m q with Some _ => ch = Keep | None => exists i, ch = Add m q i end
  | CMkdir path _ _ _ | CMknod path _ _ _ _ | CSymlink _ path _ _ | CHostBacked path _ _ _ _ _ _ =>
      exists m q i, place path m q /\ F m q = None /\ ch = Add m q i
  | CRmdir path | CUnlink path | CRemoveTree path => exists m q, place path m q /\ is_Some (F m q) /\ ch = Remove m q
  | CRename old_path new_path =>
      exists m q q2, place old_path m q /\ place new_path m q2 /\ is_Some (F m q) /\ ch = if decide (F m q2 = F m q) then Keep else Move m q q2
  | CLink old_path new_path =>
      exists m q q2 i, place old_path m q /\ place new_path m q2 /\ F m q = Some i /\ F m q2 = None /\ ch = Add m q2 i
  | _ => ch = Keep
  end.

(** ** Ledgers *)

Definition hcons (handle : Z) (l : list nat) : list nat := match handle_inode handle with Some i => i :: l | None => l end.
Definition hdrop (handle : Z) (l : list nat) : list nat := match handle_inode handle with Some i => drop_one i l | None => l end.
Definition opens_after (c : Call) (r : result Reply) (os : list nat) : list nat :=
  match c, r with
  | COpen _ _ _ _ _, Ok (Handle h) => hcons h os
  | CAddRef h, Ok _ => hcons h os
  | CRelease h, Ok _ => hdrop h os
  | _, _ => os
  end.
Definition pins_after (c : Call) (r : result Reply) (ps : list nat) : list nat :=
  match c, r with
  | CPin h, Ok _ => hcons h ps
  | CUnpin h, Ok _ => hdrop h ps
  | _, _ => ps
  end.

(** The calls that the names are proved for. Callers normalize paths and add a
    reference only to an open file. A rename must not replace a file that has
    other names: the code frees the file and leaves those names behind
    (TmpfsThms.v evaluates it), after which no statement about the names holds. *)
Definition allowed (c : Call) (os : list nat) (s : TmpfsState) : Prop :=
  match c with
  | CRename old_path new_path => canonical old_path /\ canonical new_path /\ replaces_one s old_path new_path
  | CAddRef h => forall i, handle_inode h = Some i -> In i os
  | _ => True
  end.

(** The ledgers and the names after a call. *)
Definition did (os ps : list nat) (s : TmpfsState) (c : Call) (s' : TmpfsState) (r : result Reply) : Prop :=
  good (opens_after c r os) (pins_after c r ps) s' /\ exists s1 ch, extends s s1
    /\ match r with Ok _ => effect c (at_path s1) ch | Err _ => ch = Keep end
    /\ forall m q, at_path s' m q = changed ch (at_path s1) m q.

Lemma did_kept os ps s c s' r : kept os ps s s' -> opens_after c r os = os -> pins_after c r ps = ps ->
  (match r with Ok _ => forall F, effect c F Keep | Err _ => True end) -> did os ps s c s' r.
Proof.
  intros (G & s1 & X1 & N1) E1 E2 He. split; [by rewrite E1, E2|]. exists s1, Keep. split; [done|].
  split; [by destruct r|]. intros m q. by apply same_names_at.
Qed.

Lemma wp_silent {A} (m : op TmpfsState A) s P Q R : wp m s P R ->
  (forall s' a, R s' (Ok a) -> Q s' (Ok Done)) -> (forall s' e, R s' (Err e) -> Q s' (Err e)) -> wp (silent m) s P Q.
Proof. intros Hm Hok Herr. unfold silent. eapply wp_spec_bind; [exact Hm|done| |done]. intros s' a HR. cbn. eauto. Qed.

(** ** Every call *)

Section Calls.
Context {os ps : list nat} {s : TmpfsState} (H : good os ps s).

Lemma unlink_spec path :
  wp (unlink path) s True (fun s' x => match x with
    | Ok _ => exists m q, place path m q /\ drops os ps s m q s' false
    | Err e => good os ps s' /\ extends s s'
    end).
Proof.
  unfold unlink. apply wp_locate. destruct (match_mount path) as [[m rel]|] eqn:M1; [|auto with tmpfs]. cbn [fst snd].
  case_bool_decide; [cbn; auto with tmpfs|]. set (c := split_components rel).
  eapply wp_spec_bind; [apply (resolve_spec H)|done| |by intros s1 e (H1 & X1 & _)].
  intros s1 [[p name] target] (H1 & X1 & root & Mr & R). apply wp_ok_or_bind. destruct target as [i|]; [|auto].
  apply wp_ok_or_bind. destruct name as [name|]; [|auto].
  destruct (target_live H1 m root c p (Some name) i R) as [Fi [n Hi]]. apply (wp_get_or i _ n); [done|].
  destruct (is_dir_inode n) eqn:Hd; [cbn; auto|].
  destruct (remove_file_spec H1 m root c p name i R n Hi Hd) as (s2 & s3 & E2 & E3 & D).
  apply (wp_eq _ _ (push_event s3 (Changed 2 path)) (Ok tt)).
  { rewrite (bind_ok _ _ s1 s2 tt E2). unfold op_bind in E3 |- *. destruct (drop_link i s2) as [[sa [a|a]]|]; try done. by rewrite E3. }
  exists m, c. split; [by exists rel|]. destruct D as (G & s1' & root' & i' & n' & G1 & X' & D). split; [done|].
  exists s1', root', i', n'. split; [done|]. split; [by apply (extends_trans _ s1)|]. done.
Qed.

Lemma rmdir_spec path :
  wp (rmdir path) s True (fun s' x => match x with
    | Ok _ => exists m q, place path m q /\ drops os ps s m q s' true
    | Err e => good os ps s' /\ extends s s'
    end).
Proof.
  unfold rmdir. apply wp_locate. destruct (match_mount path) as [[m rel]|] eqn:M1; [|auto with tmpfs]. cbn [fst snd].
  case_bool_decide; [cbn; auto with tmpfs|]. set (c := split_components rel).
  eapply wp_spec_bind; [apply (resolve_spec H)|done| |by intros s1 e (H1 & X1 & _)].
  intros s1 [[p name] target] (H1 & X1 & root & Mr & R). apply wp_ok_or_bind. destruct target as [i|]; [|auto].
  apply wp_ok_or_bind. destruct name as [name|]; [|auto].
  destruct (target_live H1 m root c p (Some name) i R) as [Fi [n Hi]]. apply (wp_get_or i _ n); [done|].
  destruct (kind n) as [e| | | |] eqn:Ek; try (cbn; by auto). destruct (no_entries e) eqn:Ee; [|cbn; auto].
  destruct (remove_dir_spec H1 m root c p name i R n e Hi Ek Ee) as (s2 & E2 & D).
  apply (wp_eq _ _ s2 (Ok tt)); [done|].
  exists m, c. split; [by exists rel|]. destruct D as (G & s1' & root' & i' & n' & G1 & X' & D). split; [done|].
  exists s1', root', i', n'. split; [done|]. split; [by apply (extends_trans _ s1)|]. done.
Qed.

Lemma did_drops c path m q s' dir : place path m q -> drops os ps s m q s' dir ->
  (forall F, is_Some (F m q) -> effect c F (Remove m q)) -> opens_after c (Ok Done) os = os -> pins_after c (Ok Done) ps = ps ->
  did os ps s c s' (Ok Done).
Proof.
  intros Hp (G & s1 & root & i & n & G1 & X1 & M & A & _ & _ & R & _) He E1 E2. split; [by rewrite E1, E2|].
  exists s1, (Remove m q). split; [done|]. split; [|apply R]. apply He. eauto.
Qed.

Lemma did_creates c path m q s' ok : place path m q -> creates os ps s m q s' None ok ->
  (forall F i, F m q = None -> effect c F (Add m q i)) -> opens_after c (Ok Done) os = os -> pins_after c (Ok Done) ps = ps ->
  did os ps s c s' (Ok Done).
Proof.
  intros Hp (G & s1 & root & G1 & X1 & M & i & nd & A & Ad & _) He E1 E2. split; [by rewrite E1, E2|].
  exists s1, (Add m q i). split; [done|]. split; [by apply He|apply Ad].
Qed.

Lemma creates_err m q s' e ok : creates os ps s m q s' (Some e) ok -> kept os ps s s'.
Proof. intros (G & s1 & root & G1 & X1 & M & -> & _). auto with tmpfs. Qed.

(** A creation below a path. *)
Lemma creation_spec {B} c path (mk : Z * Z -> Z -> Z -> Inode) (k : nat * nat -> op TmpfsState B) m rel Q :
  match_mount path = Some (m, rel) ->
  wp (op_bind (create_node m (split_components rel) mk) k) s True (fun s' x =>
    creates os ps s m (split_components rel) s' (match x with Ok _ => None | Err e => Some e end) Q) ->
  (forall m q F i, place path m q -> F m q = None -> effect c F (Add m q i)) ->
  (forall r, opens_after c r os = os /\ pins_after c r ps = ps) ->
  wp (op_bind (create_node m (split_components rel) mk) k) s True (fun s' x => did os ps s c s' (match x with Ok _ => Ok Done | Err e => Err e end)).
Proof.
  intros M HW He Hl. eapply wp_mono; [exact HW|done|]. intros s' [b|e] Hx.
  - apply (did_creates c path m (split_components rel) s' Q); try apply Hl; [by exists rel|done|]. intros F i Hn. apply He; [by exists rel|done].
  - apply did_kept; try apply Hl; [by apply creates_err in Hx|done].
Qed.

(** Calls that name nothing anew. *)
Definition quiet (c : Call) : Prop := (forall F, effect c F Keep) /\ forall r, opens_after c r os = os /\ pins_after c r ps = ps.

Lemma did_quiet c s' r : quiet c -> kept os ps s s' -> did os ps s c s' r.
Proof. intros [Q1 Q2] K. apply did_kept; try apply Q2; [done|]. by destruct r. Qed.

Lemma silent_kept {A} (m : op TmpfsState A) c : quiet c -> wp m s True (fun s' _ => kept os ps s s') -> wp (silent m) s True (did os ps s c).
Proof.
  intros Q K. eapply wp_silent; [exact K|..]; cbv beta; intros s' ? HK; by apply did_quiet.
Qed.

Lemma read_kept sr h offset size : wp (read sr h offset size) s True (fun s' _ => s' = s).
Proof.
  unfold read. apply wp_inode_of. destruct (handle_inode h) as [i|]; [|done]. destruct (offset <? 0); [done|].
  apply wp_get_or_cases. destruct (tab s !! i) as [n|]; [|done]. destruct (kind n) as [| | | |source total]; try done.
  destruct (total <=? offset); [done|]. apply wp_lift_bind. destruct (sr _ _ _); [|done]. by destruct (_ <? _).
Qed.

Lemma walk_then {B} path (k : nat -> op TmpfsState B) Q :
  (forall s1 i n, good os ps s1 -> extends s s1 -> tab s1 !! i = Some n -> wp (k i) s1 True Q) -> (forall s' e, good os ps s' -> extends s s' -> Q s' (Err e)) ->
  wp (op_bind (walk_path path) k) s True Q.
Proof.
  intros Hk He. eapply wp_spec_bind; [apply (walk_path_spec H path)|done| |by intros s1 e (? & ? & _); auto].
  intros s1 i (H1 & X1 & m & rel & _ & _ & [n Hi]). by apply (Hk s1 i n).
Qed.

Lemma lstat_kept path : wp (lstat path) s True (fun s' _ => kept os ps s s').
Proof.
  apply walk_then; [|auto with tmpfs]. intros s1 i n H1 X1 Hi. apply (wp_get_or i _ n); [done|]. cbn. auto with tmpfs.
Qed.

Lemma readlink_kept path size : wp (readlink path size) s True (fun s' _ => kept os ps s s').
Proof.
  apply walk_then; [|auto with tmpfs]. intros s1 i n H1 X1 Hi. apply (wp_get_or i _ n); [done|]. destruct (kind n); cbn; auto with tmpfs.
Qed.

Lemma fstat_kept h : wp (fstat h) s True (fun s' _ => kept os ps s s').
Proof.
  unfold fstat. apply wp_inode_of. destruct (handle_inode h) as [i|]; [|auto with tmpfs].
  apply wp_get_or_cases. destruct (tab s !! i) as [n|]; cbn; auto with tmpfs.
Qed.

(** The streams of a directory are not inodes. *)
Lemma kept_iters s1 l free : kept os ps s s1 -> kept os ps s (set_iters s1 l free).
Proof. done. Qed.

Lemma opendir_kept path : wp (opendir path) s True (fun s' _ => kept os ps s s').
Proof.
  apply walk_then; [|auto with tmpfs]. intros s1 i n H1 X1 Hi. apply (wp_get_or i _ n); [done|].
  assert (kept os ps s s1) as K by auto with tmpfs. destruct (kind n) as [e| | | |]; try (cbn; exact K).
  apply wp_bind. unfold wp at 1. destruct (snapshot s1 (sorted_entries e)) as [l|]; [|exact K].
  apply wp_bind. unfold wp at 1, add_iter. destruct (free_dir_iters s1) as [|j free].
  - destruct (_ <? SLAB_MAX); [|done]. cbn. by apply kept_iters.
  - destruct (_ <? _)%nat; [|done]. cbn. by apply kept_iters.
Qed.

Lemma readdir_kept h size : wp (readdir h size) s True (fun s' _ => kept os ps s s').
Proof.
  assert (kept os ps s s) as K by auto with tmpfs. unfold readdir. apply wp_lift_bind. destruct (dir_handle_to_iter h) as [i|]; [|done].
  apply wp_bind. unfold wp at 1. destruct (iter_at s i) as [it|]; [|exact K]. cbn [ok_or].
  destruct (it_entries it !! cursor it) as [[[name ino] ty]|]; [|exact K]. destruct (_ <? _)%nat; [exact K|]. cbn. by apply kept_iters.
Qed.

Lemma closedir_kept h : wp (closedir h) s True (fun s' _ => kept os ps s s').
Proof.
  assert (kept os ps s s) as K by auto with tmpfs. unfold closedir. apply wp_lift_bind. destruct (dir_handle_to_iter h) as [i|]; [|done].
  apply wp_bind. unfold wp at 1. destruct (dir_iters s !! i) as [slot|]; [|exact K]. cbn [ok_or].
  destruct slot; [|exact K]. cbn. by apply kept_iters.
Qed.

Lemma getdents_kept path buf offset : wp (getdents64 path buf offset) s True (fun s' _ => kept os ps s s').
Proof.
  unfold getdents64. destruct (offset <? 0); [cbn; auto with tmpfs|]. apply walk_then; [|auto with tmpfs].
  intros s1 i n H1 X1 Hi. apply (wp_get_or i _ n); [done|]. assert (kept os ps s s1) as K by auto with tmpfs.
  destruct (kind n) as [e| | | |]; try (cbn; exact K). unfold wp. by destruct (list_dots _ _ _ _).
Qed.

Lemma limit_kept p limit : wp (set_byte_limit p limit) s True (fun s' _ => kept os ps s s').
Proof.
  assert (kept os ps s s) as K by auto with tmpfs. unfold set_byte_limit. apply wp_ok_or_bind. destruct (position _ _) as [m|]; [|done].
  apply wp_bind. unfold wp at 1, op_some. destruct (byte_limits s !! m); [|done]. cbn. destruct K as [(S1 & F & S3) (s1 & X1 & N1)].
  split; [|by exists s1]. split; [done|]. split; [done|]. cbn. by rewrite length_insert.
Qed.

Lemma write_kept mem h offset buf : wp (write mem h offset buf) s True (fun s' _ => kept os ps s s').
Proof.
  eapply wp_mono; [apply (write_handle_spec H)|done|]. intros s' [k|e] Hx; [|subst; auto with tmpfs].
  destruct Hx as (_ & _ & _ & i & data & _ & _ & G & n & n' & d & Hi & _ & _ & Sr & _ & _ & T & R & _). split; [done|]. exists s.
  split; [auto with tmpfs|]. by apply (same_names_put s s' i n n').
Qed.

Lemma truncate_kept mem h len : wp (truncate_handle mem h len) s True (fun s' _ => kept os ps s s').
Proof.
  unfold truncate_handle. eapply wp_spec_bind; [apply (truncate_spec H)|done|..].
  - intros s' [] (_ & i & data & _ & _ & G & n & n' & d & Hi & _ & _ & Sr & _ & _ & T & R & _). cbn. split; [done|]. exists s.
    split; [auto with tmpfs|]. by apply (same_names_put s _ i n n').
  - intros s' e [->|[_ (i & n & data & _ & _ & _ & Hlt & _ & ->)]]; [auto with tmpfs|]. split; [apply (holds_charged H); lia|]. exists s.
    split; [auto with tmpfs|done].
Qed.
End Calls.

Section Step.
Context (source_read : Z -> Z -> Z -> result (list Z)).
Context {os ps : list nat} {s : TmpfsState} (H : good os ps s).

Ltac quiet_call := apply (silent_kept); [by split|].

Lemma reply_kept {A} (m : op TmpfsState A) (f : A -> Reply) c : quiet (os := os) (ps := ps) c ->
  wp m s True (fun s' _ => kept os ps s s') -> wp (op_bind m (fun a => op_ret (f a))) s True (did os ps s c).
Proof.
  intros Q K. eapply wp_spec_bind; [exact K|done|..]; cbv beta; intros s' ? HK; cbn; by apply did_quiet.
Qed.

(** Creations. *)
Lemma node_call mk c path : (forall m q F i, place path m q -> F m q = None -> effect c F (Add m q i)) ->
  (forall r, opens_after c r os = os /\ pins_after c r ps = ps) -> (forall t dv i, fresh_node (mk t dv i) dv /\ is_dir_inode (mk t dv i) = false) ->
  forall m rel, match_mount path = Some (m, rel) ->
  wp (silent (do! _ <- create_node m (split_components rel) mk; op_ret tt)) s True (did os ps s c).
Proof.
  intros He Hl Hmk m rel M. eapply wp_silent; [eapply (creation_spec (ps := ps) (os := os) c path mk _ m rel (fun nd => exists t dv i, nd = mk t dv i) M); [|done..]|by intros s' a Hx..].
  eapply wp_spec_bind; [apply (create_node_spec H m (split_components rel)); auto with tmpfs|done|by intros..].
Qed.

Lemma place_err c (e : Errno) : (forall r, opens_after c r os = os /\ pins_after c r ps = ps) -> did os ps s c s (Err e).
Proof. intros Hl. apply did_kept; try apply Hl; auto with tmpfs. Qed.

Ltac creation_call := unfold silent; apply wp_assoc, wp_locate; destruct (match_mount _) as [[m rel]|] eqn:M; [|by apply place_err]; cbn [fst snd];
  case_bool_decide; [by apply place_err|].

Lemma effect_add path m q (F : Namespace) i : place path m q -> F m q = None ->
  exists m' q' i', place path m' q' /\ F m' q' = None /\ Add m q i = Add m' q' i'.
Proof. intros. by exists m, q, i. Qed.

Lemma mknod_call path md u g bits : wp (run source_read (CMknod path md u g bits)) s True (did os ps s (CMknod path md u g bits)).
Proof.
  cbn [run]. unfold mknod_special. creation_call. apply (node_call _ (CMknod path md u g bits) path (effect_add path)); [done| |done].
  intros t dv i. split; [by apply fresh_file|done].
Qed.
Lemma symlink_call target path u g : wp (run source_read (CSymlink target path u g)) s True (did os ps s (CSymlink target path u g)).
Proof.
  cbn [run]. unfold symlink. creation_call. case_bool_decide; [by apply place_err|]. apply (node_call _ (CSymlink target path u g) path (effect_add path)); [done| |done].
  intros t dv i. split; [by apply fresh_file|done].
Qed.
Lemma host_call path source size md u g modified :
  wp (run source_read (CHostBacked path source size md u g modified)) s True (did os ps s (CHostBacked path source size md u g modified)).
Proof.
  cbn [run]. unfold create_host_backed. creation_call. apply (node_call _ (CHostBacked path source size md u g modified) path (effect_add path)); [done| |done].
  intros t dv i. split; [|done]. split; [done|]. by split_and!.
Qed.
Lemma mkdir_call path md u g : wp (run source_read (CMkdir path md u g)) s True (did os ps s (CMkdir path md u g)).
Proof.
  cbn [run]. unfold mkdir, silent. apply wp_assoc, wp_ok_or_bind. destruct (match_mount path) as [[m rel]|] eqn:M; [|by apply place_err]. cbn [fst snd].
  unfold mkdir_on_mount. case_bool_decide; [by apply place_err|].
  eapply (wp_silent (op_bind _ _)); [eapply (creation_spec (ps := ps) (os := os) (CMkdir path md u g) path _ _ m rel _ M); [|apply effect_add|done]|by intros s' a Hx..].
  apply (create_dir_spec H m (split_components rel)); auto with tmpfs.
Qed.

(** Removals and moves. *)
Lemma unlink_call path : wp (run source_read (CUnlink path)) s True (did os ps s (CUnlink path)).
Proof.
  eapply wp_silent; [apply (unlink_spec H path)|..].
  - intros s' [] (m & q & Hp & D). apply (did_drops (CUnlink path) path m q s' false); auto. intros F HF. by exists m, q.
  - intros s' e [? ?]. apply did_kept; auto with tmpfs.
Qed.
Lemma rmdir_call path : wp (run source_read (CRmdir path)) s True (did os ps s (CRmdir path)).
Proof.
  eapply wp_silent; [apply (rmdir_spec H path)|..].
  - intros s' [] (m & q & Hp & D). apply (did_drops (CRmdir path) path m q s' true); auto. intros F HF. by exists m, q.
  - intros s' e [? ?]. apply did_kept; auto with tmpfs.
Qed.
Lemma remove_tree_call path : wp (run source_read (CRemoveTree path)) s True (did os ps s (CRemoveTree path)).
Proof.
  eapply wp_silent; [eapply wp_mono; [apply (remove_tree_spec H path)|done|by intros]|..].
  - intros s' [] (G & m & rel & M & s1 & i & G1 & X1 & A & _ & Rm & _). split; [done|]. exists s1, (Remove m (split_components rel)).
    split; [done|]. split; [|done]. exists m, (split_components rel). split; [by exists rel|]. eauto.
  - intros s' e [? ?]. apply did_kept; auto with tmpfs.
Qed.
Lemma rename_call old_path new_path : allowed (CRename old_path new_path) os s ->
  wp (run source_read (CRename old_path new_path)) s True (did os ps s (CRename old_path new_path)).
Proof.
  intros (C1 & C2 & C3). eapply wp_silent; [by apply (rename_spec H old_path new_path)|..].
  - intros s' [] (G & m & rel1 & rel2 & M1 & M2 & s1 & i & n & G1 & X1 & A1 & Hi & R & Hx). split; [done|]. exists s1.
    assert (place old_path m (split_components rel1) /\ place new_path m (split_components rel2)) as [P1 P2] by (split; by eexists).
    set (q := split_components rel1) in *. set (q2 := split_components rel2) in *.
    exists (if decide (at_path s1 m q2 = at_path s1 m q) then Keep else Move m q q2). split; [done|].
    split; [exists m, q, q2; split_and!; eauto|]. rewrite A1. destruct (at_path s1 m q2) as [x|].
    + destruct (decide (x = i)) as [->|Hne].
      * rewrite decide_True by done. intros m' q'. cbn. unfold at_path. by rewrite R, Hx.
      * rewrite decide_False by congruence. apply Hx.
    + rewrite decide_False by done. apply Hx.
  - intros s' e [? ?]. apply did_kept; auto with tmpfs.
Qed.
Lemma link_call old_path new_path : wp (run source_read (CLink old_path new_path)) s True (did os ps s (CLink old_path new_path)).
Proof.
  eapply wp_silent; [by apply (link_spec H old_path new_path)|..].
  - intros s' [] (G & m & rel1 & rel2 & M1 & M2 & G' & s1 & i & n & G1 & X1 & A1 & Hi & Hd & A2 & Ad & _). split; [done|].
    exists s1, (Add m (split_components rel2) i). split; [done|]. split; [|done].
    exists m, (split_components rel1), (split_components rel2), i. split; [by exists rel1|]. split; [by exists rel2|]. done.
  - intros s' e [? ?]. apply did_kept; auto with tmpfs.
Qed.

(** References. *)
Lemma open_call path flags md u g : wp (run source_read (COpen path flags md u g)) s True (did os ps s (COpen path flags md u g)).
Proof.
  cbn [run]. eapply wp_spec_bind; [apply (open_spec H)|done|..].
  - intros s' h (m & rel & s1 & i & M & G1 & X1 & -> & Hh & G & Hx). cbn [wp op_ret]. split.
    { cbn [opens_after pins_after]. unfold hcons. by rewrite Hh. }
    exists s1, (match at_path s1 m (split_components rel) with Some _ => Keep | None => Add m (split_components rel) i end). split; [done|].
    destruct (at_path s1 m (split_components rel)) as [j|] eqn:Ea.
    + split; [|intros m' q'; by apply same_names_at, Hx]. exists m, (split_components rel). split; [by exists rel|]. by rewrite Ea.
    + split; [|apply Hx]. exists m, (split_components rel). split; [by exists rel|]. rewrite Ea. eauto.
  - intros s' e [? ?]. apply did_kept; auto with tmpfs.
Qed.
Lemma dropped_call c i os' ps' s' : dropped (s := s) i os' ps' s' -> (forall F, effect c F Keep) ->
  opens_after c (Ok Done) os = os' -> pins_after c (Ok Done) ps = ps' -> did os ps s c s' (Ok Done).
Proof.
  intros D He E1 E2. split; [rewrite E1, E2; apply D|]. exists s, Keep. split; [auto with tmpfs|]. split; [done|].
  intros m q. by apply same_names_at, (dropped_names H i os' ps').
Qed.
Lemma add_ref_call h : allowed (CAddRef h) os s -> wp (run source_read (CAddRef h)) s True (did os ps s (CAddRef h)).
Proof.
  intros Hin. eapply wp_silent; [by apply (add_ref_spec H h)|..]; cbv beta; intros s' x Hx.
  - split; [cbn [opens_after pins_after]; unfold hcons; destruct (handle_inode h); [apply Hx|by destruct Hx as [_ ->]]|].
    exists s, Keep. split; [auto with tmpfs|]. split; [done|]. intros m q. destruct (handle_inode h) as [i|]; [|by destruct Hx as [_ ->]].
    destruct Hx as (_ & _ & n & Hi & ->). apply same_names_at.
    by apply (same_names_kind s _ i n (with_refs n (nlink n) (open_count n + 1) (map_pins n)) Hi eq_refl (fun e E => E)); [apply (tab_put s i n)|].
  - destruct (handle_inode h); by destruct Hx.
Qed.
Lemma release_call h : wp (run source_read (CRelease h)) s True (did os ps s (CRelease h)).
Proof.
  eapply wp_silent; [eapply wp_mono; [apply (release_handle_spec H h)|done|by intros]|..]; cbv beta; intros s' x Hx.
  - destruct (handle_inode h) as [i|] eqn:E.
    + destruct Hx as (b & _ & D). apply (dropped_call _ i _ _ s' D); [done| |done]. cbn [opens_after]. unfold hdrop. by rewrite E.
    + destruct Hx as [_ ->]. apply did_kept; auto with tmpfs; [|done]. cbn. unfold hdrop. by rewrite E.
  - destruct (handle_inode h); [by destruct Hx as (? & ? & _)|by destruct Hx].
Qed.
Lemma pin_call h : wp (run source_read (CPin h)) s True (did os ps s (CPin h)).
Proof.
  eapply wp_silent; [eapply wp_mono; [apply (pin_spec H h)|done|by intros]|..]; cbv beta; intros s' x Hx.
  - destruct Hx as (i & E & G & n & Hi & ->). split; [cbn [opens_after pins_after]; unfold hcons; by rewrite E|].
    exists s, Keep. split; [auto with tmpfs|]. split; [done|]. intros m q. apply same_names_at.
    by apply (same_names_kind s _ i n (with_refs n (nlink n) (open_count n) (map_pins n + 1)) Hi eq_refl (fun e E => E)); [apply (tab_put s i n)|].
  - cbn in Hx. subst. apply did_kept; auto with tmpfs.
Qed.
Lemma unpin_call h : wp (run source_read (CUnpin h)) s True (did os ps s (CUnpin h)).
Proof.
  eapply wp_silent; [eapply wp_mono; [apply (unpin_spec H h)|done|by intros]|..]; cbv beta; intros s' x [Ex Hx]; [|done].
  destruct (handle_inode h) as [i|] eqn:E.
  - apply (dropped_call _ i _ _ s' Hx); [done..|]. cbn [pins_after]. unfold hdrop. by rewrite E.
  - subst. apply did_kept; auto with tmpfs; [|done]. cbn. unfold hdrop. by rewrite E.
Qed.

Lemma handle_kept handle (f : nat -> op TmpfsState unit) : (forall i, wp (f i) s True (fun s' _ => good os ps s' /\ same_names s s')) ->
  wp (do! i <- inode_of handle; f i) s True (fun s' _ => kept os ps s s').
Proof.
  intros Hf. apply wp_inode_of. destruct (handle_inode handle) as [i|]; [|auto with tmpfs]. eapply wp_mono; [apply Hf|done|].
  intros s' x [? ?]. split; [done|]. exists s. auto with tmpfs.
Qed.

(** Every call keeps the ledgers exact and does to the names what [effect]
    says. *)
Lemma run_call_spec c : allowed c os s -> wp (run source_read c) s True (did os ps s c).
Proof.
  intros Ha. destruct c.
  - apply open_call.
  - apply reply_kept; [by split|]. eapply wp_mono; [apply read_kept|done|]. intros s' x ->. auto with tmpfs.
  - quiet_call. apply (write_kept H).
  - quiet_call. apply (truncate_kept H).
  - by apply add_ref_call.
  - apply release_call.
  - apply pin_call.
  - apply unpin_call.
  - apply mkdir_call.
  - apply mknod_call.
  - apply symlink_call.
  - apply host_call.
  - apply rmdir_call.
  - apply unlink_call.
  - apply remove_tree_call.
  - by apply rename_call.
  - apply link_call.
  - quiet_call. apply (lstat_kept H).
  - quiet_call. apply (fstat_kept H).
  - apply reply_kept; [by split|]. apply (readlink_kept H).
  - quiet_call. apply update_spec; [apply (finds_path H)|auto with tmpfs].
  - quiet_call. apply update_spec; [apply (finds_path H)|auto with tmpfs].
  - quiet_call. apply update_spec; [apply (finds_handle H)|auto with tmpfs].
  - quiet_call. apply update_spec; [apply (finds_handle H)|auto with tmpfs].
  - quiet_call. apply update_spec; [apply (finds_path H)|auto with tmpfs].
  - apply reply_kept; [by split|]. apply (with_inode_at_spec H). intros n n' v E. unfold get_xattr in E.
    destruct (xattrs n !! name); cbn in E; [|done]. injection E as <- <-. exists (fun n => n). auto with tmpfs.
  - quiet_call. apply (with_state_spec H). intros s1 i n H1 _. apply (store_kept H1).
  - quiet_call. apply (with_state_spec H). intros s1 i n H1 _. apply (store_kept H1).
  - quiet_call. apply (handle_kept handle). intros i. apply (store_kept H).
  - quiet_call. apply (handle_kept handle). intros i. apply (store_kept H).
  - quiet_call. apply (with_state_spec H). intros s1 i n H1 _. apply (store_kept H1).
  - quiet_call. apply (with_inode_at_spec H). intros n n' v E. injection E as <- <-. exists (fun n => with_frozen n true). auto with tmpfs.
  - apply reply_kept; [by split|]. apply (opendir_kept H).
  - quiet_call. apply (readdir_kept H).
  - quiet_call. apply (closedir_kept H).
  - apply reply_kept; [by split|]. apply (getdents_kept H).
  - quiet_call. apply (limit_kept H).
  - quiet_call. cbn. assert (kept os ps s s) as K by auto with tmpfs. exact K.
  - quiet_call. cbn. assert (kept os ps s s) as K by auto with tmpfs. exact K.
Qed.
End Step.
