(* ===== verification/TmpfsAlong.v ===== *)
(** * What calls of the in-memory file system do to a state, step by step

    A preorder on states that every step of Tmpfs.v respects is respected by
    every call. The steps a preorder has to respect are its laws (classes
    [NameSteps], [InodeSteps], [ContentSteps]); that the calls are made of
    them is proved once. *)

From S2P Require Import Prelude Path NameTree Tmpfs TmpfsInv TmpfsSteps TmpfsData TmpfsRun.

(** ** Methods along a preorder *)

Definition along (R : relation TmpfsState) {A} (f : op TmpfsState A) : Prop := forall s s' r, f s = Some (s', r) -> R s s'.

Create HintDb along discriminated.
#[export] Hint Constants Opaque : along.
#[export] Hint Extern 0 (PreOrder _) => apply _ : along.

Section Along.
Context {R : relation TmpfsState} `{!PreOrder R} {A B : Type}.

Lemma along_ret (a : A) : along R (op_ret a).
Proof. intros s s' r [= <- <-]. done. Qed.
Lemma along_err e : along R (op_err e : op TmpfsState A).
Proof. intros s s' r [= <- <-]. done. Qed.
Lemma along_lift (x : result A) : along R (op_lift x : op TmpfsState A).
Proof. intros s s' r [= <- <-]. done. Qed.
Lemma along_get (f : TmpfsState -> A) : along R (op_get f).
Proof. intros s s' r [= <- <-]. done. Qed.
Lemma along_some (o : option A) : along R (op_some o : op TmpfsState A).
Proof. intros s s' r. unfold op_some. destruct o; [|done]. by intros [= <- <-]. Qed.
Lemma along_state_some (f : TmpfsState -> option A) : along R (fun s => op_some (f s) s).
Proof. intros s s' r. unfold op_some. destruct (f s); [|done]. by intros [= <- <-]. Qed.
Lemma along_query (f : TmpfsState -> result A) : along R (fun s => Some (s, f s)).
Proof. intros s s' r [= <- <-]. done. Qed.

Lemma along_bind_value (f : op TmpfsState A) (k : A -> op TmpfsState B) (P : A -> Prop) :
  along R f -> (forall s s' a, f s = Some (s', Ok a) -> P a) -> (forall a, P a -> along R (k a)) -> along R (op_bind f k).
Proof.
  intros Hf HP Hk s s' r. unfold op_bind. destruct (f s) as [[s1 [a|e]]|] eqn:E; [| |done].
  - intros E2. transitivity s1; [by apply (Hf s s1 (Ok a))|apply (Hk a (HP _ _ _ E) s1 s' r E2)].
  - intros [= <- <-]. by apply (Hf s s1 (Err e)).
Qed.
Lemma along_bind (f : op TmpfsState A) (k : A -> op TmpfsState B) : along R f -> (forall a, along R (k a)) -> along R (op_bind f k).
Proof. intros Hf Hk. apply (along_bind_value f k (fun _ => True)); auto. Qed.
Lemma along_lift_bind (x : result A) (k : A -> op TmpfsState B) : (forall a, x = Ok a -> along R (k a)) -> along R (op_bind (op_lift x) k).
Proof. intros Hk. apply (along_bind_value _ k (fun a => x = Ok a)); [apply along_lift| |done]. unfold op_lift. by intros s s' a [= _ ->]. Qed.
Lemma along_match (f : op TmpfsState A) (ok : A -> op TmpfsState B) (err : Errno -> op TmpfsState B) :
  along R f -> (forall a, along R (ok a)) -> (forall e, along R (err e)) -> along R (op_match f ok err).
Proof.
  intros Hf Hk He s s' r. unfold op_match. destruct (f s) as [[s1 [a|e]]|] eqn:E; [| |done]; intros E2; transitivity s1.
  - by apply (Hf s s1 (Ok a)).
  - by apply (Hk a s1 s' r).
  - by apply (Hf s s1 (Err e)).
  - by apply (He e s1 s' r).
Qed.
End Along.
Lemma along_modify (R : relation TmpfsState) (f : TmpfsState -> TmpfsState) : (forall s, R s (f s)) -> along R (op_modify f).
Proof. intros Hf s s' r [= <- <-]. apply Hf. Qed.
(** The inode that an update changes was read before. *)
Lemma along_get_or_bind {B} (R : relation TmpfsState) `{!PreOrder R} i e (k : Inode -> op TmpfsState B) :
  (forall s n s' r, get s i = Some n -> k n s = Some (s', r) -> R s s') -> along R (op_bind (get_or i e) k).
Proof.
  intros Hk s s' r. unfold get_or, op_bind, op_get, op_lift. destruct (get s i) as [n|] eqn:Hi; cbn; [by apply Hk|]. by intros [= <- <-].
Qed.
#[export] Hint Resolve along_ret along_err along_lift along_get along_some along_state_some along_query : along.

(** The branches of a method. *)
Ltac along_step := repeat match goal with
  | |- along _ (match ?x with _ => _ end) => destruct x eqn:?
  | |- forall _, _ => intros
  | |- along _ (op_bind (op_lift _) _) => apply along_lift_bind
  | |- along _ (op_bind _ _) => apply along_bind
  | |- along _ (op_match _ _ _) => apply along_match
  | |- along _ (let _ := _ in _) => cbv zeta
  end; eauto 2 with along.

(** ** Laws *)

(** A new inode: nothing in it, nothing refers to it, on a mount. *)
Definition fresh (n : Inode) : Prop :=
  bytes_of n = 0 /\ open_count n = 0 /\ map_pins n = 0 /\ is_Some (mount_of_dev (dev n)).
(** Content, attributes, device and references stay. *)
Definition same_content (n n' : Inode) : Prop :=
  kind n' = kind n /\ xattrs n' = xattrs n /\ dev n' = dev n /\ open_count n' = open_count n /\ map_pins n' = map_pins n.

Class NameSteps (R : relation TmpfsState) : Prop := {
  ns_preorder :: PreOrder R;
  ns_quiet s s' : inodes s' = inodes s -> free_inodes s' = free_inodes s -> mount_bytes s' = mount_bytes s -> byte_limits s' = byte_limits s -> R s s';
  ns_insert n : fresh n -> along R (insert_inode n);
  ns_nlink i l s n : get s i = Some n -> R s (put s i (with_nlink n l));
  ns_entries i s n e e' : get s i = Some n -> kind n = Dir e -> R s (put s i (with_kind n (Dir e')));
  ns_free i : along R (maybe_free i) }.

Class InodeSteps (R : relation TmpfsState) : Prop := {
  is_names :: NameSteps R;
  is_meta i s n n' : get s i = Some n -> same_content n n' -> R s (put s i n') }.

Class ContentSteps (R : relation TmpfsState) : Prop := {
  cs_inodes :: InodeSteps R;
  cs_empty flags i : along R (open_existing flags i);
  cs_write mem h offset buf : along R (write mem h offset buf);
  cs_truncate mem h len : along R (truncate_handle_inner mem h len);
  cs_store i name value enforce : along R (store_xattr i name value enforce) }.

#[export] Hint Extern 0 (NameSteps _) => apply _ : along.
#[export] Hint Extern 0 (InodeSteps _) => apply _ : along.
#[export] Hint Extern 0 (ContentSteps _) => apply _ : along.

Lemma mount_of_own_dev m mt : SCRATCH_MOUNTS !! m = Some mt -> is_Some (mount_of_dev (m_dev mt)).
Proof.
  intros Hm. unfold mount_of_dev. destruct (position _ SCRATCH_MOUNTS) eqn:E; [by eexists|]. exfalso.
  apply list_elem_of_lookup_2, list_elem_of_In in Hm. pose proof (proj1 (position_None _ _) E mt Hm) as Hno. cbv beta in Hno. by rewrite Z.eqb_refl in Hno.
Qed.

(** ** Names *)

Section Names.
Context {R : relation TmpfsState} `{!NameSteps R}.

Lemma quiet_modify (f : TmpfsState -> TmpfsState) : (forall s, inodes (f s) = inodes s /\ free_inodes (f s) = free_inodes s
    /\ mount_bytes (f s) = mount_bytes s /\ byte_limits (f s) = byte_limits s) -> along R (op_modify f).
Proof. intros Hf. apply along_modify. intros s. destruct (Hf s) as (? & ? & ? & ?). by apply ns_quiet. Qed.
#[local] Hint Extern 1 (along R (op_modify _)) => apply quiet_modify; done : along.

Lemma along_modify_inode i f : (forall s n, get s i = Some n -> R s (put s i (f n))) -> along R (op_modify (modify i f)).
Proof. intros Hf. apply along_modify. intros s. unfold modify. destruct (get s i) eqn:E; [by apply Hf|done]. Qed.

Lemma along_emit ev : along R (emit ev).
Proof. unfold emit. auto with along. Qed.
Lemma along_get_or i e : along R (get_or i e).
Proof. unfold get_or. along_step. Qed.
Lemma along_alloc_ino : along R alloc_ino.
Proof. intros s s' r. unfold alloc_ino. destruct (checked_add _ _ _); [|done]. intros [= <- <-]. by apply ns_quiet. Qed.
Lemma along_add_link i : along R (add_link i).
Proof.
  intros s s' r. unfold add_link. destruct (get s i) as [n|] eqn:Hi; [destruct (checked_add _ _ _); [|done]|]; intros [= <- <-]; [by apply ns_nlink|done].
Qed.
Lemma along_add_entry d name i : along R (add_entry d name i).
Proof.
  intros s s' r. unfold add_entry. destruct (get s d) as [n|] eqn:Hd; [|by intros [= <- <-]].
  destruct (kind n) as [e| | | |] eqn:Hk; try by intros [= <- <-].
  destruct (insert_name name i e) as [[e' o]|]; [|done]. intros [= <- <-]. by apply (ns_entries d s n e).
Qed.
Lemma along_drop_entry d name : along R (drop_entry d name).
Proof.
  apply along_modify_inode. intros s n Hd. destruct (kind n) as [e| | | |] eqn:Hk; [by apply (ns_entries d s n e)|..];
    (replace n with (with_nlink n (nlink n)) at 1 by by destruct n); by apply ns_nlink.
Qed.
Lemma along_drop_link i : along R (drop_link i).
Proof. apply along_modify_inode. intros s n. apply ns_nlink. Qed.
Lemma along_set_nlink i l : along R (set_nlink i l).
Proof. apply along_modify_inode. intros s n. apply ns_nlink. Qed.
Lemma along_recompute d : along R (recompute_dir_nlink d).
Proof.
  intros s s' r. unfold recompute_dir_nlink. destruct (entries_of s d); [destruct (checked_add _ _ _); [|done]|]; intros [= <- <-]; [|done].
  unfold modify. destruct (get s d) eqn:Hd; [by apply ns_nlink|done].
Qed.
Lemma along_walk_from r q : along R (walk_from r q).
Proof. apply along_query. Qed.
Lemma along_locate path : along R (locate path).
Proof. unfold locate. along_step. Qed.
Lemma along_inode_of handle : along R (inode_of handle).
Proof. apply along_lift. Qed.
#[local] Hint Resolve along_emit along_get_or along_alloc_ino along_add_link along_add_entry along_drop_entry along_drop_link along_set_nlink
  along_recompute along_walk_from along_locate along_inode_of ns_free : along.

Lemma along_mount_dev {B} m (k : Z -> op TmpfsState B) : (forall d, is_Some (mount_of_dev d) -> along R (k d)) -> along R (op_bind (mount_dev m) k).
Proof.
  intros Hk. apply (along_bind_value _ k (fun d => is_Some (mount_of_dev d))); [unfold mount_dev; along_step| |done].
  intros s s' a. unfold mount_dev, op_bind, op_some, op_ret. destruct (SCRATCH_MOUNTS !! m) as [mt|] eqn:E; [|done]. intros [= _ <-]. by apply (mount_of_own_dev m).
Qed.

Lemma along_layout_node root node dv : is_Some (mount_of_dev dv) -> along R (insert_layout_node root node dv).
Proof.
  intros Hd. unfold insert_layout_node. along_step; [intros s s' r; destruct (walk _ _ _); [|done]; by intros [= <- <-]|].
  apply ns_insert. destruct (_ =? _); by split_and!.
Qed.
Lemma along_layout root nodes dv : is_Some (mount_of_dev dv) -> along R (insert_layout root nodes dv).
Proof. intros Hd. induction nodes as [|node nodes IH]; cbn [insert_layout]; along_step. by apply along_layout_node. Qed.
Lemma along_mount_root m : along R (mount_root m).
Proof.
  unfold mount_root. apply along_bind; [auto with along|]. intros [root|]; [auto with along|].
  apply (along_bind_value _ _ (fun mt => is_Some (mount_of_dev (m_dev mt)))); [auto with along| |].
  - intros s s' mt. unfold op_some. destruct (SCRATCH_MOUNTS !! m) eqn:E; [|done]. intros [= _ <-]. by apply (mount_of_own_dev m).
  - intros mt Hm. along_step; [by apply ns_insert|by apply along_layout].
Qed.
#[local] Hint Resolve along_mount_root : along.
Lemma along_resolve m rel : along R (resolve m rel).
Proof. unfold resolve. along_step. Qed.
#[local] Hint Resolve along_resolve : along.
Lemma along_walk_path path : along R (walk_path path).
Proof. unfold walk_path. along_step. Qed.
Lemma along_resolve_at path : along R (resolve_at path).
Proof. unfold resolve_at. along_step. Qed.
Lemma along_add_node p name mk : (forall t i, fresh (mk t i)) -> along R (add_node p name mk).
Proof. intros Hf. unfold add_node. along_step. by apply ns_insert. Qed.
Lemma along_create_node m q mk : (forall t d i, is_Some (mount_of_dev d) -> fresh (mk t d i)) -> along R (create_node m q mk).
Proof.
  intros Hf. unfold create_node. apply along_bind; [auto with along|]. intros [[parent name] [i|]]; [auto with along|]. apply along_lift_bind. intros a _.
  apply along_mount_dev. intros d Hd. along_step. apply along_add_node. auto.
Qed.
#[local] Hint Resolve along_walk_path along_resolve_at : along.

Lemma along_mkdir path md u g : along R (mkdir path md u g).
Proof. unfold mkdir, mkdir_on_mount. along_step. by apply along_create_node. Qed.
Lemma along_mknod path md u g bits : along R (mknod_special path md u g bits).
Proof. unfold mknod_special. along_step. by apply along_create_node. Qed.
Lemma along_symlink target path u g : along R (symlink target path u g).
Proof. unfold symlink. along_step. by apply along_create_node. Qed.
Lemma along_host_backed path source size md u g modified : along R (create_host_backed path source size md u g modified).
Proof. unfold create_host_backed. along_step. by apply along_create_node. Qed.

Lemma along_remove_children cs stack : along R (remove_children cs stack).
Proof. revert stack. induction cs as [|c cs IH]; intros stack; cbn [remove_children]; along_step. Qed.
#[local] Hint Resolve along_remove_children : along.
Lemma along_take_children d : along R (take_children d).
Proof.
  intros s s' r. unfold take_children, entries_of. destruct (get s d) as [n|] eqn:Hd; [|by intros [= <- <-]].
  destruct (kind n) as [e| | | |] eqn:Hk; try by intros [= <- <-]. intros [= <- <-]. unfold modify. rewrite Hd. by apply (ns_entries d s n e).
Qed.
#[local] Hint Resolve along_take_children : along.
Lemma along_remove_directories fuel stack : along R (remove_directories fuel stack).
Proof. revert stack. induction fuel as [|fuel IH]; intros [|d stack]; cbn [remove_directories]; along_step. by intros s s' r. Qed.
#[local] Hint Resolve along_remove_directories : along.

Lemma along_rmdir path : along R (rmdir path).
Proof. unfold rmdir. along_step. Qed.
Lemma along_unlink path : along R (unlink path).
Proof. unfold unlink. along_step. Qed.
Lemma along_remove_tree path : along R (remove_tree path).
Proof. unfold remove_tree. along_step. Qed.
Lemma along_rename old_path new_path : along R (rename old_path new_path).
Proof. unfold rename, replace_destination. along_step. Qed.

Lemma along_opendir path : along R (opendir path).
Proof.
  unfold opendir. along_step. intros s s' r. unfold add_iter.
  destruct (free_dir_iters s) as [|i free]; (destruct (_ : bool); [|done]); intros [= <- <-]; by apply ns_quiet.
Qed.
Lemma along_readdir h size : along R (readdir h size).
Proof. unfold readdir. along_step. Qed.
Lemma along_closedir h : along R (closedir h).
Proof. unfold closedir. along_step. Qed.
Lemma along_lstat path : along R (lstat path).
Proof. unfold lstat. along_step. Qed.
Lemma along_fstat h : along R (fstat h).
Proof. unfold fstat. along_step. Qed.
Lemma along_readlink path size : along R (readlink path size).
Proof. unfold readlink. along_step. Qed.
Lemma along_read sr h o size : along R (read sr h o size).
Proof. unfold read. along_step. Qed.
Lemma along_getdents path buf o : along R (getdents64 path buf o).
Proof. unfold getdents64. along_step. intros s s' r. destruct (list_dots _ _ _ _); [|done]. by intros [= <- <-]. Qed.
End Names.

#[export] Hint Extern 1 (along _ (op_modify _)) => apply quiet_modify; done : along.
#[export] Hint Resolve ns_free along_emit along_get_or along_alloc_ino along_add_link along_add_entry along_drop_entry along_drop_link along_set_nlink
  along_recompute along_walk_from along_locate along_inode_of along_mount_root along_resolve along_walk_path along_resolve_at along_mkdir along_mknod
  along_symlink along_host_backed along_rmdir along_unlink along_remove_tree along_rename along_opendir along_readdir along_closedir along_lstat along_fstat
  along_readlink along_read along_getdents : along.

(** ** Metadata and content *)

Lemma same_content_times n a m c : same_content n (with_times n a m c).
Proof. by split_and!. Qed.
Lemma same_content_owner n u g : same_content n (with_owner n u g).
Proof. by split_and!. Qed.
Lemma same_content_mode n md : same_content n (with_mode n md).
Proof. by split_and!. Qed.
#[export] Hint Resolve same_content_times same_content_owner same_content_mode : along.

Section Inodes.
Context {R : relation TmpfsState} `{!InodeSteps R}.

Lemma along_update find e f : along R find -> (forall t n, same_content n (f t n)) -> along R (update_mutable find e f).
Proof. intros Hf Hs. unfold update_mutable. along_step. apply along_modify_inode. intros s n Hi. by apply (is_meta _ s n). Qed.

Lemma along_chmod path md : along R (chmod path md).
Proof. apply along_update; [auto with along|]. intros; by split_and!. Qed.
Lemma along_fchmod h md : along R (fchmod h md).
Proof. apply along_update; [auto with along|]. intros; by split_and!. Qed.
Lemma same_content_set_owner u g b t n : same_content n (set_owner u g b t n).
Proof. unfold set_owner. by destruct b; split_and!. Qed.
Lemma along_chown path u g b : along R (chown path u g b).
Proof. apply along_update; auto using same_content_set_owner with along. Qed.
Lemma along_fchown h u g b : along R (fchown h u g b).
Proof. apply along_update; auto using same_content_set_owner with along. Qed.
Lemma along_utimensat path a m c : along R (utimensat path a m c).
Proof. apply along_update; auto with along. Qed.

Lemma along_link p1 p2 : along R (link p1 p2).
Proof. unfold link. along_step. apply along_modify_inode. intros s x Hi. by apply (is_meta _ s x). Qed.

Lemma along_with_inode {A} path (f : Inode -> result (Inode * A)) : (forall n n' a, f n = Ok (n', a) -> same_content n n') -> along R (with_inode_at path f).
Proof.
  intros Hf. unfold with_inode_at. apply along_bind; [auto with along|]. intros a. apply along_lift_bind. intros i _. apply along_get_or_bind; [apply _|]. intros s n s' r Hi. unfold op_bind, op_lift. destruct (f n) as [[n' x]|] eqn:E; [|by intros [= <- <-]].
  intros [= <- <-]. apply (is_meta _ s n n' Hi). by apply (Hf n n' x).
Qed.
End Inodes.

#[export] Hint Resolve along_chmod along_fchmod along_chown along_fchown along_utimensat along_link : along.

(** The calls that count references, and the one that sets a limit. *)
Definition counts_refs (c : Call) : bool :=
  match c with COpen _ _ _ _ _ | CAddRef _ | CRelease _ | CPin _ | CUnpin _ => true | _ => false end.
Definition sets_limit (c : Call) : bool := match c with CSetLimit _ _ => true | _ => false end.

Section Content.
Context {R : relation TmpfsState} `{!ContentSteps R}.

#[local] Hint Resolve cs_write cs_truncate cs_store : along.

Lemma along_with_state {A} path (f : nat -> op TmpfsState A) : (forall i, along R (f i)) -> along R (with_state_at path f).
Proof. intros Hf. unfold with_state_at. along_step. Qed.

Lemma along_run sr c : counts_refs c = false -> sets_limit c = false -> along R (run sr c).
Proof.
  intros Hc Hl. destruct c; try done; cbn [run]; unfold silent; (apply along_bind; [|auto with along]); auto with along;
    try match goal with
    | |- along _ (xattr_set _ _ _) => apply along_with_state; auto with along
    | |- along _ (xattr_remove _ _) => apply along_with_state; auto with along
    | |- along _ (xattr_set_kernel _ _ _) => apply along_with_state; auto with along
    end.
  - unfold truncate_handle. along_step.
  - apply along_with_inode. intros n n' a. unfold get_xattr. destruct (xattrs n !! name); [|done]. intros [= <- _]. by split_and!.
  - unfold xattr_set_handle. along_step.
  - unfold xattr_remove_handle. along_step.
  - apply along_with_inode. intros n n' a [= <- _]. by split_and!.
  - unfold set_now. auto with along.
  - intros s s' r [= <- <-]. by apply ns_quiet.
Qed.

(** The part of [open] before the reference is counted. *)
Lemma along_open_target flags md u g parent name target dev : is_Some (mount_of_dev dev) ->
  along R (match target with Some existing => open_existing flags existing | None => open_create flags md u g parent name dev end).
Proof.
  intros Hd. destruct target; [apply cs_empty|]. unfold open_create. along_step. apply along_add_node. intros; by split_and!.
Qed.
End Content.

(** References are counted. *)
Class RefSteps (R : relation TmpfsState) : Prop := {
  rs_content :: ContentSteps R;
  rs_refs i s n o p : get s i = Some n -> R s (put s i (with_refs n (nlink n) o p)) }.

Section Refs.
Context {R : relation TmpfsState} `{!RefSteps R}.

Lemma along_add_open i e : along R (add_open i e).
Proof. unfold add_open. along_step. apply along_modify_inode. intros s n Hi. by apply rs_refs. Qed.

Lemma along_every_run sr c : sets_limit c = false -> along R (run sr c).
Proof.
  intros Hl. destruct (counts_refs c) eqn:Hc; [|by apply along_run]. destruct c; try done; cbn [run]; unfold silent; (apply along_bind; [|auto with along]).
  - unfold open. apply along_bind; [auto with along|]. intros at_. apply along_bind; [auto with along|]. intros [[parent name] target].
    apply along_mount_dev. intros d Hd. apply along_bind; [by apply along_open_target|]. intros i. along_step. apply along_add_open.
  - intros s s' r. unfold add_ref_handle. destruct (file_handle_to_inode _) as [i|]; [|by intros [= <- <-]].
    destruct (get s i) eqn:Hi; [destruct (checked_add _ _ _); [|done]|]; intros [= <- <-]; [by apply rs_refs|done].
  - intros s s' r. unfold release_handle. destruct (file_handle_to_inode _) as [i|]; [|by intros [= <- <-]].
    destruct (get s i) as [n|] eqn:Hi; [|by intros [= <- <-]]. cbv zeta. intros E. etransitivity; [by apply rs_refs|].
    refine (along_bind (R := R) _ _ (ns_free i) _ _ _ _ E). auto with along.
  - unfold pin_mapping. along_step; apply along_modify_inode; intros; by apply rs_refs.
  - unfold unpin_mapping. along_step. apply along_modify_inode. intros; by apply rs_refs.
Qed.
End Refs.
