(* ===== verification/TmpfsQuota.v ===== *)
(** * Quotas of the in-memory file system

    No call takes a mount above its byte limit, and no mount stores more than
    it is charged for. The arguments are about the steps alone (TmpfsAlong.v):
    they ask nothing of the names. *)

From S2P Require Import Prelude Path NameTree Tmpfs TmpfsInv TmpfsSteps TmpfsOps TmpfsData TmpfsOpen TmpfsRun TmpfsAlong.

(** ** Limits *)

(** The limits are the same, and every account is at most what it was or its
    limit. *)
Definition within (s s' : TmpfsState) : Prop :=
  byte_limits s' = byte_limits s /\ length (mount_bytes s') = length (mount_bytes s)
  /\ forall m used used' limit, mount_bytes s !! m = Some used -> mount_bytes s' !! m = Some used' -> byte_limits s !! m = Some (Some limit) ->
       0 <= limit -> used' <= Z.max used limit.

Lemma within_same s s' : byte_limits s' = byte_limits s -> mount_bytes s' = mount_bytes s -> within s s'.
Proof. intros E1 E2. split; [done|]. split; [congruence|]. intros m u u' l H1 H2 _ _. rewrite E2 in H2. assert (u' = u) as -> by congruence. lia. Qed.
Lemma within_trans s1 s2 s3 : within s1 s2 -> within s2 s3 -> within s1 s3.
Proof.
  intros (A1 & A2 & A3) (B1 & B2 & B3). split; [congruence|]. split; [congruence|]. intros m u u3 l H1 H3 Hl H0.
  assert (is_Some (mount_bytes s2 !! m)) as [u2 H2] by (apply lookup_lt_is_Some; rewrite A2; by apply lookup_lt_Some in H1).
  pose proof (A3 m u u2 l H1 H2 Hl H0). rewrite <- A1 in Hl. pose proof (B3 m u2 u3 l H2 H3 Hl H0). lia.
Qed.


#[export] Instance within_preorder : PreOrder within.
Proof. split; [intros s; by apply within_same|intros s1 s2 s3; apply within_trans]. Qed.

Lemma frugal_charge dv b : along within (charge dv b).
Proof.
  unfold charge. destruct (mount_of_dev dv) as [m|]; [|apply along_ret]. intros s s' r. unfold op_bind, op_some, op_lift.
  destruct (mount_bytes s !! m) as [current|] eqn:Hc; [|done]. destruct (checked_add u64_max current b) as [u|] eqn:Eu; cbn [ok_or].
  2: { intros E. injection E as <- <-. by apply within_same. }
  destruct (byte_limits s !! m) as [limit|] eqn:Hl; [|done]. destruct (match limit with Some limit => limit <? u | None => false end) eqn:Eq.
  { intros E. injection E as <- <-. by apply within_same. }
  intros E. injection E as <- <-. split; [done|]. split; [cbn; by rewrite length_insert|]. intros m' x x' l H1 H2 H3 H0. cbn in H2.
  destruct (decide (m' = m)) as [->|Hne].
  - rewrite list_lookup_insert_eq in H2 by by apply lookup_lt_Some in Hc. injection H2 as <-. assert (limit = Some l) as -> by congruence.
    apply Z.ltb_ge in Eq. lia.
  - rewrite list_lookup_insert_ne in H2 by done. assert (x' = x) as -> by congruence. lia.
Qed.

Lemma frugal_credit dv b : 0 <= b -> along within (credit dv b).
Proof.
  intros Hb. unfold credit. destruct (mount_of_dev dv) as [m|]; [|apply along_ret]. intros s s' r. unfold op_bind, op_some, op_modify.
  destruct (mount_bytes s !! m) as [current|] eqn:Hc; [|done]. intros E. injection E as <- <-. split; [done|]. split; [cbn; by rewrite length_insert|].
  intros m' x x' l H1 H2 H3 H0. cbn in H2. destruct (decide (m' = m)) as [->|Hne].
  - rewrite list_lookup_insert_eq in H2 by by apply lookup_lt_Some in Hc. injection H2 as <-. assert (x = current) as -> by congruence.
    unfold saturating_sub. lia.
  - rewrite list_lookup_insert_ne in H2 by done. assert (x' = x) as -> by congruence. lia.
Qed.
#[local] Hint Resolve frugal_charge : along.
#[local] Hint Extern 1 (along within (credit _ _)) => apply frugal_credit; first [lia | apply xattr_bytes_nonneg | unfold saturating_sub; lia] : along.
#[local] Hint Extern 1 (along within (op_modify _)) => apply along_modify; intros; first [by apply within_same | unfold modify; destruct (get _ _); by apply within_same] : along.

#[export] Instance within_names : NameSteps within.
Proof.
  split.
  - apply _.
  - intros. by apply within_same.
  - intros n _ s s' r. unfold insert_inode. destruct (free_inodes s) as [|i free]; (destruct (_ : bool); [|done]); intros [= <- <-]; by apply within_same.
  - intros. by apply within_same.
  - intros. by apply within_same.
  - intros i s s' r. unfold maybe_free. destruct (get s i) as [n|]; [|by intros [= <- <-]]. destruct (unreferenced n); [|by intros [= <- <-]].
    apply (along_bind (R := within)); [unfold emit; along_step|]. intros _. along_step.
Qed.
#[export] Instance within_inodes : InodeSteps within.
Proof. split; [apply _|]. intros. by apply within_same. Qed.

#[export] Instance within_content : ContentSteps within.
Proof.
  split; [apply _|..].
  - intros flags i. unfold open_existing. along_step.
  - intros mem h offset buf. unfold write. along_step.
  - intros mem h len. unfold truncate_handle_inner. along_step.
  - intros i name value enforce. unfold store_xattr. along_step. apply frugal_credit. destruct (xattrs a !! name); cbn in *; [|done].
    match goal with E : Ok _ = Ok _ |- _ => injection E as <- end. lia.
Qed.
#[export] Instance within_refs : RefSteps within.
Proof. split; [apply _|]. intros. by apply within_same. Qed.

(** ** Accounts *)

(** No mount stores more than before without being charged for it. *)
Definition paid (x : Z -> Z) (s' : TmpfsState) : Prop := sound s' /\ exists x', slack x' s' /\ forall d, x d <= x' d.
Definition charged (s s' : TmpfsState) : Prop := forall x, sound s -> slack x s -> paid x s'.

#[export] Instance charged_preorder : PreOrder charged.
Proof.
  split; [intros s x H1 H2; split; [done|]; by exists x|]. intros s1 s2 s3 H12 H23 x H1 H2. destruct (H12 x H1 H2) as (G1 & y & G2 & Hy).
  destruct (H23 y G1 G2) as (F1 & z & F2 & Hz). split; [done|]. exists z. split; [done|]. intros d. pose proof (Hy d). pose proof (Hz d). lia.
Qed.

(** Enough to look at one run on a sound state. *)
Lemma along_paid {A} (f : op TmpfsState A) : (forall s x, sound s -> slack x s -> wp f s True (fun s' _ => paid x s')) -> along charged f.
Proof. intros Hf s s' r E x H1 H2. apply (wp_run _ _ _ _ _ _ (Hf s x H1 H2) E). Qed.

Section Paid.
Context {s : TmpfsState} {x : Z -> Z} (Hs : sound s) (Hx : slack x s).

Lemma paid_same : paid x s.
Proof. split; [done|]. by exists x. Qed.

Lemma paid_account dv b : 0 <= b -> paid x (account s dv b).
Proof.
  intros Hb. split; [exact Hs|]. exists (fun d => x d + if dv =? d then b else 0). destruct Hx as [X1 X2].
  split; [|intros d; destruct (_ =? _); lia]. split; [intros d; pose proof (X1 d); destruct (_ =? _); lia|].
  cbn [mount_bytes account set_mount_bytes]. rewrite X2, zip_with_map. apply map_ext. intros m. change (tab (account s dv b)) with (tab s). lia.
Qed.

(** An inode changes after its mount was charged for the growth. *)
Lemma paid_revised i n n' : tab s !! i = Some n -> dev n' = dev n -> paid x (put (account s (dev n) (bytes_of n' - bytes_of n)) i n').
Proof.
  intros Hi Hd. set (b := _ - _). set (s' := put _ i n'). assert (tab s' = <[i := n']> (tab s)) as T by by apply (tab_put (account s (dev n) b) i n).
  destruct Hs as (S1 & S2 & S3). destruct Hx as [X1 X2]. split.
  - split; [apply (slab_put (account s (dev n) b) i n); [done|by rewrite <- tab_get]|]. split; [|done]. intros j m. rewrite T.
    destruct (decide (j = i)) as [->|Hne]; [rewrite lookup_insert_eq; intros [= <-]; rewrite Hd; by apply (S2 i)|]. rewrite lookup_insert_ne by done. apply S2.
  - exists x. split; [|done]. split; [done|]. unfold s'. cbn [mount_bytes account set_mount_bytes put set_inodes]. fold s'.
    rewrite X2, zip_with_map. apply map_ext. intros m. rewrite T, (used_put _ i n), Hd by done. unfold b. destruct (_ =? _); lia.
Qed.

Lemma paid_unchanged i n n' : tab s !! i = Some n -> dev n' = dev n -> bytes_of n' = bytes_of n -> paid x (put s i n').
Proof. intros Hi Hd Hb. rewrite <- (account_zero Hs Hx (dev n)). replace 0 with (bytes_of n' - bytes_of n) by lia. by apply paid_revised. Qed.

Lemma paid_adjusted s' : adjusted s s' -> paid x s'.
Proof.
  intros [->|[(i & n & n' & Hi & Hr & ->)|(dv & b & Hb & ->)]]; [apply paid_same|apply paid_revised; [done|apply Hr]|by apply paid_account].
Qed.
End Paid.

#[export] Instance charged_names : NameSteps charged.
Proof.
  split.
  - apply _.
  - intros s s' E1 E2 E3 E4 x (H1 & H2 & H3) [X1 X2]. assert (tab s' = tab s) as T by (unfold tab; by rewrite E1). split.
    + split; [unfold slab_ok in *; by rewrite E1, E2|]. by rewrite T, E4.
    + exists x. split; [|done]. split; [done|]. by rewrite E3, T.
  - intros n (F1 & _ & _ & F4). apply along_paid. intros s x (H1 & H2 & H3) [X1 X2]. eapply wp_mono; [by apply insert_inode_spec|done|].
    intros s' r (i & _ & S1 & Hi & T & E). split.
    + split; [done|]. split; [|by rewrite E]. intros j m. rewrite T. destruct (decide (j = i)) as [->|Hne]; [rewrite lookup_insert_eq; by intros [= <-]|].
      rewrite lookup_insert_ne by done. apply H2.
    + exists x. split; [|done]. split; [done|]. assert (mount_bytes s' = mount_bytes s) as -> by by rewrite E. rewrite T, X2. apply map_ext. intros m. unfold used. rewrite map_sum_insert, F1 by done.
      destruct (_ =? _); lia.
  - intros i l s n Hi x H1 H2. rewrite <- tab_get in Hi. by apply (paid_unchanged H1 H2 i n).
  - intros i s n e e' Hi Hk x H1 H2. rewrite <- tab_get in Hi. apply (paid_unchanged H1 H2 i n); try done. unfold bytes_of. cbn. by rewrite Hk.
  - intros i. apply along_paid. intros s x Hs Hx. pose proof Hs as (H1 & H2 & H3). unfold wp, maybe_free. destruct (get s i) as [n|] eqn:Hi; [|by apply paid_same].
    destruct (unreferenced n) eqn:Hu; [|by apply paid_same]. rewrite <- tab_get in Hi. pose proof (proj1 Hx) as X1.
    destruct (maybe_free_delete s i n x H1 Hi Hu (H2 i n Hi) X1 (proj2 Hx)) as (s' & E & S1 & T & (_ & F2 & _) & B).
    unfold maybe_free in E. rewrite <- tab_get, Hi, Hu in E. rewrite E. split.
    + split; [done|]. split; [|by rewrite F2]. intros j m. rewrite T, lookup_delete. case_decide; [done|]. apply H2.
    + exists x. split; [|done]. split; [done|]. rewrite B, T. apply map_ext. intros m. unfold used. by rewrite (map_sum_delete _ _ i n Hi).
Qed.
#[export] Instance charged_inodes : InodeSteps charged.
Proof.
  split; [apply _|]. intros i s n n' Hi (E1 & E2 & E3 & _) x H1 H2. rewrite <- tab_get in Hi. apply (paid_unchanged H1 H2 i n); try done.
  unfold bytes_of. by rewrite E1, E2.
Qed.

(** The calls on content only adjust. *)
Section Adjusts.
Context {s : TmpfsState} {x : Z -> Z} (Hs : sound s) (Hx : slack x s).
Abbreviation adjusts f := (wp f s True (fun s' _ => adjusted s s')).

Lemma adjusts_write mem h offset buf : adjusts (write mem h offset buf).
Proof.
  eapply wp_mono; [apply (write_runs Hs Hx)|done|]. intros s' [k|e]; [|by left]. intros (_ & _ & _ & i & data & _ & _ & n & n' & d & Hv & _). right. left. by exists i, n, n'.
Qed.
Lemma adjusts_truncate mem h len : adjusts (truncate_handle_inner mem h len).
Proof.
  eapply wp_mono; [apply (truncate_runs Hs Hx)|done|]. intros s' [[]|e].
  - intros (_ & i & data & _ & _ & n & n' & d & Hv & _). right. left. by exists i, n, n'.
  - intros [->|(_ & i & n & data & _ & _ & _ & Hlt & _ & ->)]; [by left|]. right. right. exists (dev n), (len - lenZ data). split; [lia|done].
Qed.
Lemma adjusts_store i name value enforce : adjusts (store_xattr i name value enforce).
Proof.
  eapply wp_mono; [apply (store_runs Hs Hx)|done|]. intros s' [[]|e]; [|by left]. intros (n & n' & Hv & _). right. left. by exists i, n, n'.
Qed.
Lemma adjusts_empty flags i : adjusts (open_existing flags i).
Proof.
  destruct (tab s !! i) as [n|] eqn:Hi.
  - eapply wp_mono; [by apply (open_existing_runs Hs Hx)|done|]. intros s' [j|e]; [|by left]. intros (_ & n' & Hv & _). right. left. by exists i, n, n'.
  - unfold open_existing. destruct (_ && _); [by left|]. apply wp_get_or_cases. rewrite Hi. by left.
Qed.
End Adjusts.

#[export] Instance charged_content : ContentSteps charged.
Proof.
  split; [apply _|..]; intros; apply along_paid; intros s x Hs Hx; (eapply wp_mono; [|done|intros s' r; apply (paid_adjusted Hs Hx)]).
  - by apply (adjusts_empty Hs Hx).
  - by apply (adjusts_write Hs Hx).
  - by apply (adjusts_truncate Hs Hx).
  - by apply (adjusts_store Hs Hx).
Qed.
#[export] Instance charged_refs : RefSteps charged.
Proof. split; [apply _|]. intros i s n o p Hi x H1 H2. rewrite <- tab_get in Hi. by apply (paid_unchanged H1 H2 i n). Qed.

(** ** Any history *)

(** Every state that calls lead to, whatever they are. *)
Inductive history (source_read : Z -> Z -> Z -> result (list Z)) : TmpfsState -> Prop :=
  | history_new : history source_read new
  | history_call s c s' r : history source_read s -> run source_read c s = Some (s', r) -> history source_read s'.

Lemma set_limit_charged p limit : along charged (set_byte_limit p limit).
Proof.
  apply along_paid. intros s x Hs Hx. unfold set_byte_limit. apply wp_lift_bind. destruct (ok_or _ _) as [m|]; [|by apply paid_same].
  unfold wp, op_bind, op_some, op_modify. destruct (byte_limits s !! m); [|done]. destruct Hs as (S1 & S2 & S3). split; [|by exists x].
  split; [done|]. split; [done|]. cbn. by rewrite length_insert.
Qed.

Lemma charged_run sr c : along charged (run sr c).
Proof.
  destruct (sets_limit c) eqn:Hc; [|by apply along_every_run]. destruct c; try done. cbn [run]. unfold silent. apply along_bind; [apply set_limit_charged|auto with along].
Qed.

Lemma tab_new : tab new = ∅.
Proof. apply map_eq. intros i. by rewrite tab_get. Qed.

Lemma history_sound sr s : history sr s -> sound s /\ exists x, slack x s.
Proof.
  induction 1 as [|s c s' r _ (Hs & x & Hx) E].
  - split; [|exists (fun _ => 0)].
    + split; [split; [apply NoDup_nil_2|]; split; [|done]; intros i; cbn; split; [by intros ?%not_elem_of_nil|by destruct i]|]. split; [|done]. intros i n. by rewrite tab_new.
    + split; [done|]. rewrite tab_new. unfold used. cbn [mount_bytes new]. apply map_ext. intros m. by rewrite map_sum_empty.
  - destruct (charged_run sr c s s' r E x Hs Hx) as (H' & x' & Hx' & _). eauto.
Qed.
