(* ===== verification/TmpfsHeld.v ===== *)
(** * Open and mapped files of the in-memory file system

    What the references on an inode keep alive, in any history of calls: the
    argument is about the steps (TmpfsAlong.v) and asks nothing of the names. *)

From S2P Require Import Prelude Path NameTree Tmpfs TmpfsInv TmpfsSteps TmpfsOps TmpfsData TmpfsOpen TmpfsRun TmpfsAlong TmpfsQuota.

(** ** Referenced files stay *)

Definition referenced (n : Inode) : bool := negb ((open_count n =? 0) && (map_pins n =? 0)).

(** What an inode keeps. *)
Class Sameness (same : relation Inode) : Prop := {
  sm_preorder :: PreOrder same;
  sm_nlink n l : same n (with_nlink n l);
  sm_refs n n' : same n n' -> is_dir_inode n' = is_dir_inode n /\ open_count n' = open_count n /\ map_pins n' = map_pins n }.

(** Its references. *)
Definition same_counts (n n' : Inode) : Prop :=
  is_dir_inode n' = is_dir_inode n /\ open_count n' = open_count n /\ map_pins n' = map_pins n.
(** Everything but its link count. *)
Definition same_but_links (n n' : Inode) : Prop := n' = with_nlink n (nlink n').

#[export] Instance same_counts_ok : Sameness same_counts.
Proof. split; [split; [by intros n|unfold same_counts; intros a b c (?&?&?) (?&?&?); split_and!; congruence]|done|done]. Qed.
#[export] Instance same_but_links_ok : Sameness same_but_links.
Proof.
  split; [split|..].
  - intros n. unfold same_but_links. by destruct n.
  - unfold same_but_links. intros a b c E1 E2. rewrite E2, E1. by destruct a.
  - done.
  - intros n n' ->. done.
Qed.

Definition stay (same : relation Inode) (s s' : TmpfsState) : Prop :=
  (forall i n, tab s !! i = Some n -> is_dir_inode n = false -> referenced n = true -> exists n', tab s' !! i = Some n' /\ same n n')
  /\ forall i n', tab s' !! i = Some n' -> referenced n' = true -> exists n, tab s !! i = Some n /\ open_count n' = open_count n /\ map_pins n' = map_pins n.
Definition keeps (same : relation Inode) (s s' : TmpfsState) : Prop :=
  charged s s' /\ forall x, sound s -> slack x s -> stay same s s'.

Section Keeps.
Context {same : relation Inode} `{!Sameness same}.

Lemma stay_same s s' : tab s' = tab s -> stay same s s'.
Proof. intros E. split; [intros i n Hi _ _; exists n; by rewrite E|]. rewrite E. eauto. Qed.

Lemma stay_put s s' i n n' : tab s !! i = Some n -> tab s' = <[i := n']> (tab s) -> (is_dir_inode n = false -> same n n') ->
  open_count n' = open_count n -> map_pins n' = map_pins n -> stay same s s'.
Proof.
  intros Hi T Hs Ho Hp. split; intros j m; rewrite T.
  - intros Hj Hd _. destruct (decide (j = i)) as [->|Hne]; [rewrite lookup_insert_eq|rewrite lookup_insert_ne by done; by exists m].
    exists n'. split; [done|]. assert (m = n) as -> by congruence. auto.
  - destruct (decide (j = i)) as [->|Hne]; [rewrite lookup_insert_eq; intros [= <-] _; eauto|]. rewrite lookup_insert_ne by done. eauto.
Qed.

Lemma stay_trans s1 s2 s3 : stay same s1 s2 -> stay same s2 s3 -> stay same s1 s3.
Proof.
  intros [A1 A2] [B1 B2]. split.
  - intros i n Hi Hd Hr. destruct (A1 i n Hi Hd Hr) as (n2 & Hi2 & E2). destruct (sm_refs _ _ E2) as (C1 & C2 & C3).
    destruct (B1 i n2 Hi2) as (n3 & Hi3 & E3); [congruence|unfold referenced in *; by rewrite C2, C3|]. exists n3. split; [done|]. by transitivity n2.
  - intros i n3 Hi Hr. destruct (B2 i n3 Hi Hr) as (n2 & Hi2 & E1 & E2). destruct (A2 i n2 Hi2) as (n & Hn & E3 & E4).
    { unfold referenced in *. by rewrite <- E1, <- E2. }
    exists n. split_and!; congruence.
Qed.

#[export] Instance keeps_preorder : PreOrder (keeps same).
Proof.
  split.
  - intros s. split; [done|]. intros. by apply stay_same.
  - intros s1 s2 s3 [A1 A2] [B1 B2]. split; [by transitivity s2|]. intros x Hs Hx. destruct (A1 x Hs Hx) as (H2 & y & Hy & _).
    apply (stay_trans s1 s2); eauto.
Qed.

Lemma along_keeps {A} (f : op TmpfsState A) : along charged f -> (forall s x, sound s -> slack x s -> wp f s True (fun s' _ => stay same s s')) -> along (keeps same) f.
Proof. intros H1 H2 s s' r E. split; [by apply (H1 s s' r)|]. intros x Hs Hx. apply (wp_run _ _ _ _ _ _ (H2 s x Hs Hx) E). Qed.

#[export] Instance keeps_names : NameSteps (keeps same).
Proof.
  split.
  - apply _.
  - intros s s' E1 E2 E3 E4. split; [by apply ns_quiet|]. intros. apply stay_same. unfold tab. by rewrite E1.
  - intros n Hn. apply along_keeps; [by apply ns_insert|]. intros s x (S1 & _) _. eapply wp_mono; [by apply insert_inode_spec|done|].
    intros s' r (i & _ & _ & Hi & T & _). split; intros j m; rewrite T.
    + intros Hj _ _. exists m. split; [|done]. rewrite lookup_insert_ne by congruence. done.
    + destruct (decide (j = i)) as [->|Hne]; [|rewrite lookup_insert_ne by done; eauto]. rewrite lookup_insert_eq. intros [= <-].
      destruct Hn as (_ & E1 & E2 & _). unfold referenced. by rewrite E1, E2.
  - intros i l s n Hi. split; [by apply ns_nlink|]. intros _ _ _. rewrite <- tab_get in Hi. apply (stay_put s _ i n (with_nlink n l)); try done; [by apply tab_put with n|]. intros _. apply sm_nlink.
  - intros i s n e e' Hi Hk. split; [by apply (ns_entries i s n e)|]. intros _ _ _. rewrite <- tab_get in Hi.
    apply (stay_put s _ i n (with_kind n (Dir e'))); try done; [by apply tab_put with n|]. unfold is_dir_inode. by rewrite Hk.
  - intros i. apply along_keeps; [apply ns_free|]. intros s x Hs Hx. pose proof Hs as (H1 & H2 & H3). unfold wp, maybe_free.
    destruct (get s i) as [n|] eqn:Hi; [|by apply stay_same]. destruct (unreferenced n) eqn:Hu; [|by apply stay_same]. rewrite <- tab_get in Hi.
    destruct (maybe_free_delete s i n x H1 Hi Hu (H2 i n Hi) (proj1 Hx) (proj2 Hx)) as (s' & E & _ & T & _).
    unfold maybe_free in E. rewrite <- tab_get, Hi, Hu in E. rewrite E. split; intros j m; rewrite T, lookup_delete; case_decide as Hj; try done.
    + intros Hm _ Hr. exfalso. subst j. assert (m = n) as -> by congruence. unfold unreferenced in Hu. unfold referenced in Hr.
      destruct (nlink n =? 0); [|done]. cbn in Hu. by rewrite Hu in Hr.
    + intros Hm _ _. by exists m.
    + intros Hm _. by exists m.
Qed.
End Keeps.

#[export] Instance keeps_inodes : InodeSteps (keeps same_counts).
Proof.
  split; [apply _|]. intros i s n n' Hi Hc. split; [by apply (is_meta i s n)|]. intros _ _ _. rewrite <- tab_get in Hi. destruct Hc as (E1 & _ & _ & E2 & E3).
  apply (stay_put s _ i n n'); try done; [by apply tab_put with n|]. intros _. split; [unfold is_dir_inode; by rewrite E1|done].
Qed.
Lemma stay_adjusted s s' : adjusted s s' -> stay same_counts s s'.
Proof.
  intros [->|[(i & n & n' & Hv)|(dv & b & _ & ->)]]; [by apply stay_same| |by apply stay_same]. destruct (revised_tab _ _ _ _ _ Hv) as (T & _).
  destruct Hv as (Hi & [R1 _ _ (_ & R2 & R3)] & _). by apply (stay_put s _ i n n').
Qed.
#[export] Instance keeps_content : ContentSteps (keeps same_counts).
Proof.
  split; [apply _|..]; intros; (apply along_keeps; [first [apply cs_empty | apply cs_write | apply cs_truncate | apply cs_store]|]); intros s x Hs Hx;
    (eapply wp_mono; [|done|intros s' r; apply stay_adjusted]).
  - by apply (adjusts_empty Hs Hx).
  - by apply (adjusts_write Hs Hx).
  - by apply (adjusts_truncate Hs Hx).
  - by apply (adjusts_store Hs Hx).
Qed.

(** ** Ledgers *)

(** The references that are open and mapped are counted, on live files. *)
Definition ledger (os ps : list nat) (s : TmpfsState) : Prop :=
  (forall i n, tab s !! i = Some n -> open_count n = occ i os /\ map_pins n = occ i ps)
  /\ forall i, In i os \/ In i ps -> exists n, tab s !! i = Some n /\ is_dir_inode n = false.

Section Ledger.
Context {os ps : list nat} {s : TmpfsState} (L : ledger os ps s).

Lemma ledger_referenced i n : tab s !! i = Some n -> referenced n = true <-> In i os \/ In i ps.
Proof.
  intros Hi. destruct (proj1 L i n Hi) as [E1 E2]. unfold referenced. rewrite E1, E2, !occ_pos. pose proof (cnt_nonneg (Nat.eqb i) os). pose proof (cnt_nonneg (Nat.eqb i) ps).
  unfold occ in *. destruct (Z.eqb_spec (cnt (Nat.eqb i) os) 0), (Z.eqb_spec (cnt (Nat.eqb i) ps) 0); cbn; split; try done; lia.
Qed.

Lemma ledger_stay same s' : Sameness same -> stay same s s' -> ledger os ps s'.
Proof.
  intros HS [K1 K2]. assert (forall i, In i os \/ In i ps -> exists n n', tab s !! i = Some n /\ tab s' !! i = Some n' /\ same n n' /\ is_dir_inode n = false) as Hheld.
  { intros i Hi. destruct (proj2 L i Hi) as (n & Hn & Hd). destruct (K1 i n Hn Hd) as (n' & Hn' & Hsame); [by apply (ledger_referenced i)|]. by exists n, n'. }
  assert (forall i n', In i os \/ In i ps -> tab s' !! i = Some n' -> open_count n' = occ i os /\ map_pins n' = occ i ps) as Hcount.
  { intros i n' Hi Hi'. destruct (Hheld i Hi) as (n & n1 & Hn & Hn1 & Hsame & _). assert (n1 = n') as -> by congruence. destruct (sm_refs _ _ Hsame) as (_ & -> & ->). by apply L. }
  split.
  - intros i n' Hi'. assert (In i os \/ In i ps \/ ~ (In i os \/ In i ps)) as [Hi|[Hi|Hno]] by (destruct (in_dec Nat.eq_dec i os), (in_dec Nat.eq_dec i ps); tauto).
    + by apply (Hcount i n' (or_introl Hi)).
    + by apply (Hcount i n' (or_intror Hi)).
    + assert (~ In i os /\ ~ In i ps) as [N1 N2] by tauto. rewrite !occ_zero by done. destruct (referenced n') eqn:Hr.
      * destruct (K2 i n' Hi' Hr) as (n & Hn & -> & ->). destruct (proj1 L i n Hn) as [-> ->]. by rewrite !occ_zero.
      * unfold referenced in Hr. destruct (Z.eqb_spec (open_count n') 0), (Z.eqb_spec (map_pins n') 0); done.
  - intros i Hi. destruct (Hheld i Hi) as (n & n' & _ & Hn' & Hsame & Hd). exists n'. split; [done|]. destruct (sm_refs _ _ Hsame) as (-> & _). done.
Qed.

(** One inode is counted anew. *)
Lemma ledger_count i n os' ps' : tab s !! i = Some n -> (In i os' \/ In i ps' -> is_dir_inode n = false) ->
  (forall j, j <> i -> occ j os' = occ j os /\ occ j ps' = occ j ps) ->
  ledger os' ps' (put s i (with_refs n (nlink n) (occ i os') (occ i ps'))).
Proof.
  intros Hi Hd Hj. set (n' := with_refs _ _ _ _). assert (tab (put s i n') = <[i := n']> (tab s)) as T by by apply tab_put with n. split; intros j; rewrite T.
  - intros m. destruct (decide (j = i)) as [->|Hne]; [rewrite lookup_insert_eq; by intros [= <-]|]. rewrite lookup_insert_ne by done. intros Hm.
    destruct (Hj j Hne) as [-> ->]. by apply L.
  - intros Hin. destruct (decide (j = i)) as [->|Hne]; [rewrite lookup_insert_eq; exists n'; auto|]. rewrite lookup_insert_ne by done. apply L.
    rewrite !occ_pos in *. destruct (Hj j Hne) as [<- <-]. done.
Qed.
End Ledger.

Lemma bind_cases {A B} (f : op TmpfsState A) (k : A -> op TmpfsState B) s s' r : op_bind f k s = Some (s', r) ->
  (exists s1 a, f s = Some (s1, Ok a) /\ k a s1 = Some (s', r)) \/ exists e, f s = Some (s', Err e) /\ r = Err e.
Proof. unfold op_bind. destruct (f s) as [[s1 [a|e]]|]; [eauto|intros [= <- <-]; eauto|done]. Qed.

(** A reference is added only to an open file, as its callers do. *)
Definition refers (c : Call) (os : list nat) : Prop :=
  match c with CAddRef h => forall i, handle_inode h = Some i -> In i os | _ => True end.

Section Counts.
Context {os ps : list nat} {s : TmpfsState} {x : Z -> Z} (Hs : sound s) (Hx : slack x s) (L : ledger os ps s).

Lemma ledger_keeps {A} (f : op TmpfsState A) s' r : along (keeps same_counts) f -> f s = Some (s', r) -> ledger os ps s'.
Proof. intros Hf E. destruct (Hf s s' r E) as [_ K]. apply (ledger_stay L same_counts s' _ (K x Hs Hx)). Qed.

Lemma add_ref_ledger i n : tab s !! i = Some n -> is_dir_inode n = false -> ledger (i :: os) ps (put s i (with_refs n (nlink n) (open_count n + 1) (map_pins n))).
Proof.
  intros Hi Hd. destruct (proj1 L i n Hi) as [E1 E2]. rewrite E1, E2. replace (occ i os + 1) with (occ i (i :: os)) by (rewrite occ_more, decide_True by done; lia).
  apply (ledger_count L i n (i :: os) ps Hi); [done|]. intros j Hj. by rewrite occ_more, decide_False.
Qed.

Lemma drop_ledger i n os' ps' : tab s !! i = Some n -> os' = drop_one i os /\ ps' = ps \/ os' = os /\ ps' = drop_one i ps ->
  ledger os' ps' (put s i (with_refs n (nlink n) (occ i os') (occ i ps'))).
Proof.
  intros Hi Hl. apply (ledger_count L i n os' ps' Hi).
  - intros Hin. destruct (proj2 L i) as (m & Hm & Hd); [|congruence]. rewrite !occ_pos in *. destruct Hl as [[-> ->]|[-> ->]];
      rewrite occ_drop_one, decide_True in Hin by done; unfold saturating_sub in Hin; lia.
  - intros j Hj. destruct Hl as [[-> ->]|[-> ->]]; by rewrite ?occ_drop_one, ?decide_False.
Qed.
End Counts.

(** A sound state with its ledgers. *)
Definition counted (os ps : list nat) (s : TmpfsState) : Prop := sound s /\ (exists x, slack x s) /\ ledger os ps s.

Lemma counted_step {A} (f : op TmpfsState A) os ps s s' r : along (keeps same_counts) f -> counted os ps s -> f s = Some (s', r) -> counted os ps s'.
Proof.
  intros Hf (Hs & (x & Hx) & L) E. destruct (Hf s s' r E) as [K1 K2]. destruct (K1 x Hs Hx) as (Hs' & x' & Hx' & _). split; [done|]. split; [eauto|].
  apply (ledger_stay L same_counts s' _ (K2 x Hs Hx)).
Qed.

Lemma counted_bind {A B} (f : op TmpfsState A) (k : A -> op TmpfsState B) os ps s s' r (Q : Prop) :
  along (keeps same_counts) f -> counted os ps s -> op_bind f k s = Some (s', r) ->
  (forall s1 a, f s = Some (s1, Ok a) -> counted os ps s1 -> k a s1 = Some (s', r) -> Q) -> (forall e, r = Err e -> counted os ps s' -> Q) -> Q.
Proof.
  intros Hf C E Hok Herr. apply bind_cases in E as [(s1 & a & E1 & E2)|(e & E1 & ->)].
  - apply (Hok s1 a E1); [by apply (counted_step f os ps s s1 (Ok a))|done].
  - apply (Herr e eq_refl). by apply (counted_step f os ps s s' (Err e)).
Qed.

Section RunCounts.

Lemma add_open_counted i e os ps s s' r n : counted os ps s -> tab s !! i = Some n -> is_dir_inode n = false ->
  add_open i e s = Some (s', r) -> r = Ok tt /\ ledger (i :: os) ps s' /\ slab_ok s' /\ is_Some (tab s' !! i).
Proof.
  intros ((S1 & _) & _ & L) Hi Hd. unfold add_open, get_or, op_bind, op_get, op_lift, op_some, op_modify. rewrite <- tab_get, Hi. cbn [ok_or].
  unfold checked_add. destruct (_ <=? u32_max); [|done]. rewrite (modify_put s i _ n) by done. intros [= <- <-]. split; [done|].
  split; [by apply (add_ref_ledger L)|]. split; [apply (slab_put s i n); [done|by rewrite <- tab_get]|]. rewrite (tab_put s i n) by done. by rewrite lookup_insert_eq.
Qed.

Lemma open_counted path flags md u g os ps s s' r : counted os ps s -> open path flags md u g s = Some (s', r) ->
  match r with Ok h => ledger (hcons h os) ps s' | Err _ => ledger os ps s' end.
Proof.
  intros C E. unfold open in E.
  eapply counted_bind; [|exact C|exact E| |intros e -> (_ & _ & L); exact L]; [auto with along|]. clear C E. intros s1 at_ _ C E.
  eapply counted_bind; [|exact C|exact E| |intros e -> (_ & _ & L); exact L]; [auto with along|]. clear C E. intros s2 [[parent name] target] _ C E.
  assert (forall a s3, mount_dev (fst at_) s2 = Some (s3, Ok a) -> is_Some (mount_of_dev a) /\ s3 = s2) as Hdev.
  { intros a s3. unfold mount_dev, op_bind, op_some, op_ret. destruct (SCRATCH_MOUNTS !! _) as [mt|] eqn:Em; [|done]. intros [= <- <-]. split; [by eapply mount_of_own_dev|done]. }
  apply bind_cases in E as [(s3 & d & E1 & E)|(e & E1 & ->)].
  2: { unfold mount_dev, op_bind, op_some, op_ret in E1. by destruct (SCRATCH_MOUNTS !! _). }
  destruct (Hdev d s3 E1) as [Hd ->]. cbv beta iota in E.
  eapply counted_bind; [|exact C|exact E| |intros e -> (_ & _ & L); exact L]; [by apply along_open_target|]. clear C E. intros s4 i _ C E.
  apply bind_cases in E as [(s5 & n & E2 & E)|(e & E2 & ->)].
  2: { unfold get_or, op_bind, op_get, op_lift in E2. injection E2 as <- _. apply C. }
  assert (s5 = s4 /\ tab s4 !! i = Some n) as [-> Hi].
  { unfold get_or, op_bind, op_get, op_lift in E2. destruct (get s4 i) eqn:Hi; cbn in E2; [|done]. injection E2 as <- <-. by rewrite tab_get. }
  destruct (is_dir_inode n) eqn:Hdir; [injection E as <- <-; apply C|].
  apply bind_cases in E as [(s6 & [] & E3 & E)|(e & E3 & ->)].
  2: { destruct (add_open_counted _ _ _ _ _ _ _ _ C Hi Hdir E3) as (? & _). done. }
  destruct (add_open_counted _ _ _ _ _ _ _ _ C Hi Hdir E3) as (_ & L6 & S6 & [n6 H6]).
  assert (r = Ok (inode_to_file_handle i) /\ tab s' = tab s6) as [-> T].
  { destruct (truncates flags); unfold emit, op_bind, op_modify, op_ret in E; by injection E as <- <-. }
  unfold hcons. rewrite (handle_of_inode s6 i n6) by done. unfold ledger in *. by rewrite T.
Qed.

Lemma add_ref_counted h os ps s s' r : counted os ps s -> refers (CAddRef h) os -> add_ref_handle h s = Some (s', r) -> ledger (hcons h os) ps s' /\ exists b, r = Ok b.
Proof.
  intros (_ & _ & L) Hr. unfold add_ref_handle, hcons. cbn in Hr. unfold handle_inode in *. destruct (file_handle_to_inode h) as [i|]; [|intros [= <- <-]; eauto].
  destruct (proj2 L i) as (n & Hi & Hd); [auto|]. rewrite <- tab_get, Hi. unfold checked_add. destruct (_ <=? u32_max); [|done]. intros [= <- <-].
  split; [by apply (add_ref_ledger L)|eauto].
Qed.

Lemma free_ok i s s' e : maybe_free i s = Some (s', Err e) -> False.
Proof.
  unfold maybe_free. destruct (get s i) as [n|]; [|done]. destruct (unreferenced n); [|done]. unfold credit, emit, op_bind, op_modify, op_some, op_ret.
  destruct (kind n), (mount_of_dev (dev n)); cbn; repeat (destruct (_ !! _); cbn); done.
Qed.

(** Freeing keeps the ledgers. *)
Lemma free_counted i os ps s s' r : sound s -> (exists x, slack x s) -> ledger os ps s -> maybe_free i s = Some (s', r) -> ledger os ps s'.
Proof. intros H1 H2 L E. by apply (counted_step _ os ps s s' r (ns_free (R := keeps same_counts) i)). Qed.

Lemma counted_put os ps os' ps' s i n o p : counted os ps s -> tab s !! i = Some n -> ledger os' ps' (put s i (with_refs n (nlink n) o p)) ->
  counted os' ps' (put s i (with_refs n (nlink n) o p)).
Proof.
  intros (Hs & (x & Hx) & _) Hi L. destruct (paid_unchanged Hs Hx i n (with_refs n (nlink n) o p)) as (H1 & y & H2 & _); try done. split; [done|]. eauto.
Qed.

Lemma release_counted h os ps s s' r : counted os ps s -> release_handle h s = Some (s', r) -> ledger (hdrop h os) ps s' /\ exists b, r = Ok b.
Proof.
  intros C. pose proof C as (Hs & _ & L). unfold release_handle, hdrop, handle_inode. destruct (file_handle_to_inode h) as [i|]; [|intros [= <- <-]; eauto]. rewrite <- tab_get.
  destruct (tab s !! i) as [n|] eqn:Hi.
  - destruct (proj1 L i n Hi) as [E1 E2]. cbv zeta. rewrite E1, E2. intros E.
    assert (saturating_sub (occ i os) 1 = occ i (drop_one i os)) as Eo by by rewrite occ_drop_one, decide_True. rewrite Eo in E.
    pose proof (drop_ledger L i n (drop_one i os) ps Hi ltac:(auto)) as L1. destruct (counted_put _ _ _ _ _ _ _ _ _ C Hi L1) as (H1 & H2 & _).
    apply bind_cases in E as [(s1 & [] & E3 & [= <- <-])|(e & E3 & ->)]; [split; [by apply (free_counted i _ _ _ _ _ H1 H2 L1 E3)|eauto]|].
    exfalso. by apply free_ok in E3.
  - intros [= <- <-]. split; [|eauto]. rewrite drop_one_absent; [done|]. intros Hin. destruct (proj2 L i) as (n & ? & _); [auto|congruence].
Qed.

Lemma unpin_counted h os ps s s' r : counted os ps s -> unpin_mapping h s = Some (s', r) -> ledger os (hdrop h ps) s' /\ exists b, r = Ok b.
Proof.
  intros C. pose proof C as (Hs & _ & L). unfold unpin_mapping, hdrop, handle_inode. destruct (file_handle_to_inode h) as [i|]; [|intros [= <- <-]; eauto].
  unfold op_bind, op_modify. destruct (tab s !! i) as [n|] eqn:Hi.
  - rewrite (modify_put s i _ n) by done. destruct (proj1 L i n Hi) as [E1 E2]. rewrite E1, E2. intros E.
    assert (saturating_sub (occ i ps) 1 = occ i (drop_one i ps)) as Eo by by rewrite occ_drop_one, decide_True. rewrite Eo in E.
    pose proof (drop_ledger L i n os (drop_one i ps) Hi ltac:(auto)) as L1. destruct (counted_put _ _ _ _ _ _ _ _ _ C Hi L1) as (H1 & H2 & _).
    split; [by apply (free_counted i _ _ _ _ _ H1 H2 L1 E)|]. destruct r; [eauto|]. exfalso. by apply free_ok in E.
  - assert (get s i = None) as Hg by by rewrite <- tab_get. unfold modify. rewrite Hg. unfold maybe_free. rewrite Hg. intros [= <- <-]. split; [|eauto]. rewrite drop_one_absent; [done|].
    intros Hin. destruct (proj2 L i) as (n & ? & _); [auto|congruence].
Qed.

Lemma pin_counted h os ps s s' r : counted os ps s -> pin_mapping h s = Some (s', r) ->
  match r with Ok _ => ledger os (hcons h ps) s' | Err _ => ledger os ps s' end.
Proof.
  intros (_ & _ & L). assert (wp (pin_mapping h) s True (fun s' r => match r with Ok _ => ledger os (hcons h ps) s' | Err _ => ledger os ps s' end)) as HW; [|by apply (wp_run _ _ _ _ _ _ HW)].
  unfold pin_mapping, hcons. apply wp_inode_of. destruct (handle_inode h) as [i|]; [|done]. apply wp_get_or_cases. destruct (tab s !! i) as [n|] eqn:Hi; [|done].
  destruct (proj1 L i n Hi) as [E1 E2].
  destruct (kind n) as [e|data|target|bits|source size] eqn:Hk; try done; (apply wp_ok_or_bind; unfold checked_add; destruct (_ <=? u32_max); [|done]); unfold wp, op_modify;
    rewrite (modify_put s i _ n), E1, E2 by done; replace (occ i ps + 1) with (occ i (i :: ps)) by (rewrite occ_more, decide_True by done; lia);
    (apply (ledger_count L i n os (i :: ps) Hi); [unfold is_dir_inode; by rewrite Hk|]); intros j Hj; by rewrite occ_more, decide_False.
Qed.

Lemma run_ledger sr c os ps s s' r : counted os ps s -> refers c os -> run sr c s = Some (s', r) -> ledger (opens_after c r os) (pins_after c r ps) s'.
Proof.
  intros C Hr E. destruct (counts_refs c) eqn:Hc.
  - destruct c; try done; cbn [run] in E; unfold silent in E; apply bind_cases in E as [(s1 & a & E1 & [= <- <-])|(e & E1 & ->)]; cbn [opens_after pins_after].
    + apply (open_counted _ _ _ _ _ _ _ _ _ _ C E1).
    + apply (open_counted _ _ _ _ _ _ _ _ _ _ C E1).
    + apply (add_ref_counted _ _ _ _ _ _ C Hr E1).
    + by destruct (add_ref_counted _ _ _ _ _ _ C Hr E1) as [_ [b ?]].
    + apply (release_counted _ _ _ _ _ _ C E1).
    + by destruct (release_counted _ _ _ _ _ _ C E1) as [_ [b ?]].
    + apply (pin_counted _ _ _ _ _ _ C E1).
    + apply (pin_counted _ _ _ _ _ _ C E1).
    + apply (unpin_counted _ _ _ _ _ _ C E1).
    + by destruct (unpin_counted _ _ _ _ _ _ C E1) as [_ [b ?]].
  - assert (opens_after c r os = os /\ pins_after c r ps = ps) as [-> ->] by (destruct c; done). destruct (sets_limit c) eqn:Hl.
    + destruct c; try done. assert (tab s' = tab s) as T.
      { cbn [run] in E. unfold silent, set_byte_limit, op_bind, op_lift, op_some, op_modify, op_ret in E. destruct (ok_or _ _) as [m|]; [|by injection E as <- _].
        destruct (byte_limits s !! m); [by injection E as <- _|done]. }
      destruct C as (_ & _ & L). unfold ledger in *. by rewrite T.
    + apply (counted_step (run sr c) os ps s s' r); [by apply along_run|done|done].
Qed.
End RunCounts.

(** ** Any history *)

Inductive traced (sr : Z -> Z -> Z -> result (list Z)) : list nat -> list nat -> TmpfsState -> Prop :=
  | traced_new : traced sr [] [] new
  | traced_call os ps s c s' r : traced sr os ps s -> refers c os -> run sr c s = Some (s', r) -> traced sr (opens_after c r os) (pins_after c r ps) s'.

Lemma traced_history sr os ps s : traced sr os ps s -> history sr s.
Proof. induction 1; econstructor; eauto. Qed.

Lemma traced_counted sr os ps s : traced sr os ps s -> counted os ps s.
Proof.
  induction 1 as [|os ps s c s' r HT C Hr E].
  - destruct (history_sound sr new (history_new sr)) as (H1 & H2). split; [done|]. split; [done|]. split; [intros i n; by rewrite tab_new|]. cbn. tauto.
  - pose proof (traced_call sr os ps s c s' r HT Hr E) as HT'. destruct (history_sound sr s' (traced_history _ _ _ _ HT')) as (H1 & H2).
    split; [done|]. split; [done|]. by apply (run_ledger sr c os ps s).
Qed.
