(* ===== verification/TmpfsList.v ===== *)
(** * Directory listings of the in-memory file system

    The records [getdents64] writes, a reader of them, and what a listing
    returns: the entries of an interval of positions. Position 0 is [.],
    position 1 [..], and an entry with cookie [c] is at position [c + 2]. *)

From S2P Require Import Prelude Path NameTree Tmpfs TmpfsInv TmpfsSteps TmpfsOps TmpfsMove TmpfsData TmpfsRun.
From Stdlib Require Import Permutation.

(** ** Records *)

Definition Entry : Type := Z * list Z.

(** The reader of the records: positions and names. A record gives its own
    length at byte 16, its type at byte 18 and its name, ended by a zero byte,
    from byte 19 on; [d_off] is the position after the entry. *)
Fixpoint until_zero (l : list Z) : list Z :=
  match l with [] => [] | b :: l => if b =? 0 then [] else b :: until_zero l end.
Fixpoint parse_dirents (fuel : nat) (l : list Z) : option (list Entry) :=
  match l, fuel with
  | [], _ => Some []
  | _, O => None
  | _, S fuel =>
      let reclen := Z.to_nat (le_value (take 2 (drop 16 l))) in
      if (reclen <=? 19)%nat then None
      else
        match parse_dirents fuel (drop reclen l) with
        | Some rest => Some ((le_value (take 8 (drop 8 l)) - 1, until_zero (take (reclen - 19) (drop 19 l))) :: rest)
        | None => None
        end
  end.

Lemma parse_step fuel l : l <> [] -> parse_dirents (S fuel) l =
  let reclen := Z.to_nat (le_value (take 2 (drop 16 l))) in
  if (reclen <=? 19)%nat then None
  else match parse_dirents fuel (drop reclen l) with
       | Some rest => Some ((le_value (take 8 (drop 8 l)) - 1, until_zero (take (reclen - 19) (drop 19 l))) :: rest)
       | None => None
       end.
Proof. by destruct l. Qed.

Lemma until_zero_name name k : ~ In 0 name -> until_zero (name ++ 0 :: k) = name.
Proof.
  induction name as [|b name IH]; intros H; [done|]. cbn. destruct (Z.eqb_spec b 0) as [->|]; [exfalso; apply H; by left|].
  f_equal. apply IH. intros ?. apply H. by right.
Qed.

Lemma dirent_reclen_spec name reclen : dirent_reclen name = Some reclen -> lenZ name + 20 <= reclen <= lenZ name + 27.
Proof.
  unfold dirent_reclen, checked_add. repeat (destruct (_ <=? _); [|done]). intros E. injection E as <-.
  assert (Z.ldiff (19 + lenZ name + 1 + 7) 7 = 8 * ((19 + lenZ name + 1 + 7) / 8)) as ->.
  { change 7 with (Z.ones 3) at 2. rewrite Z.ldiff_ones_r by lia. rewrite Z.shiftl_mul_pow2, Z.shiftr_div_pow2 by lia. change (2 ^ 3) with 8. lia. }
  pose proof (Z.div_mod (19 + lenZ name + 1 + 7) 8). pose proof (Z.mod_pos_bound (19 + lenZ name + 1 + 7) 8). lia.
Qed.

Lemma dirent_bytes_length reclen d_ino d_off d_type name : lenZ name + 20 <= reclen ->
  length (dirent_bytes reclen d_ino d_off d_type name) = Z.to_nat reclen.
Proof. intros H. unfold dirent_bytes. rewrite !length_app, !length_le_bytes, length_replicate. cbn. lia. Qed.

(** Reading one record back. *)
Lemma parse_dirent fuel reclen d_ino p d_type name rest out : lenZ name + 20 <= reclen <= u16_max -> ~ In 0 name -> 0 <= p < i64_max ->
  parse_dirents fuel rest = Some out ->
  parse_dirents (S fuel) (dirent_bytes reclen d_ino (p + 1) d_type name ++ rest) = Some ((p, name) :: out).
Proof.
  intros Hr Hn Hp Hrest. pose proof (dirent_bytes_length reclen d_ino (p + 1) d_type name ltac:(lia)) as Hlen.
  set (rec := dirent_bytes reclen d_ino (p + 1) d_type name) in *.
  assert (take 2 (drop 16 (rec ++ rest)) = le_bytes 2 reclen) as E1.
  { unfold rec, dirent_bytes. rewrite <- !app_assoc. rewrite app_assoc. rewrite drop_app_length'; [|by rewrite length_app, !length_le_bytes].
    rewrite take_app_length'; [done|by rewrite length_le_bytes]. }
  assert (take 8 (drop 8 (rec ++ rest)) = le_bytes 8 (p + 1)) as E2.
  { unfold rec, dirent_bytes. rewrite <- !app_assoc. rewrite drop_app_length'; [|by rewrite length_le_bytes].
    rewrite take_app_length'; [done|by rewrite length_le_bytes]. }
  assert (until_zero (take (Z.to_nat reclen - 19) (drop 19 (rec ++ rest))) = name) as E3.
  { unfold rec, dirent_bytes. rewrite <- !app_assoc. rewrite 3!app_assoc. rewrite drop_app_length'; [|rewrite !length_app, !length_le_bytes; done].
    rewrite (app_assoc name), take_app_length'.
    - destruct (Z.to_nat reclen - (19 + length name))%nat as [|k] eqn:Ek; [lia|]. cbn [replicate]. by apply until_zero_name.
    - rewrite length_app, length_replicate. lia. }
  rewrite parse_step by (intros El; apply (f_equal length) in El; rewrite length_app, Hlen in El; cbn in El; lia). cbv zeta.
  rewrite E1, E2, !le_value_bytes. change (256 ^ Z.of_nat 2) with 65536. change (256 ^ Z.of_nat 8) with (2 ^ 64).
  unfold u16_max, i64_max in *. rewrite !Z.mod_small by lia. rewrite E3. rewrite (proj2 (Nat.leb_gt _ _)) by lia.
  rewrite drop_app_length' by done. rewrite Hrest. f_equal. f_equal. f_equal. lia.
Qed.

(** One record goes into the buffer, or nothing does. *)
Lemma write_dirent_spec buf pos d_ino d_off d_type name buf' w : (pos <= length buf)%nat ->
  write_dirent64 buf pos d_ino d_off d_type name = (buf', w) ->
  w = 0%nat /\ buf' = buf \/
  exists reclen, lenZ name + 20 <= reclen <= u16_max /\ w = Z.to_nat reclen /\ (pos + w <= length buf')%nat /\ length buf' = length buf
    /\ take (pos + w) buf' = take pos buf ++ dirent_bytes reclen d_ino d_off d_type name.
Proof.
  intros Hpos. unfold write_dirent64. destruct (dirent_reclen name) as [reclen|] eqn:Er; [|intros E; injection E as <- <-; auto].
  apply dirent_reclen_spec in Er. unfold checked_add. destruct (_ <=? usize_max); [|intros E; injection E as <- <-; auto].
  destruct ((u16_max <? reclen) || (lenZ buf <? Z.of_nat pos + reclen)) eqn:Eb; [intros E; injection E as <- <-; auto|].
  apply orb_false_iff in Eb as [E1 E2]. apply Z.ltb_ge in E1, E2. intros E. injection E as <- <-. right. exists reclen.
  pose proof (dirent_bytes_length reclen d_ino d_off d_type name ltac:(lia)) as Hl.
  assert (length (splice pos (dirent_bytes reclen d_ino d_off d_type name) buf) = length buf) as Hs.
  { unfold splice. rewrite !length_app, length_take, length_drop, Hl. lia. }
  split_and!; auto; [lia..| ]. unfold splice. rewrite app_assoc, take_app_length'; [done|]. rewrite length_app, length_take, Hl. lia.
Qed.

(** ** Listings *)

(** The records [bytes] read as the entries [out]. *)
Definition parses (bytes : list Z) (out : list Entry) : Prop :=
  (length out <= length bytes)%nat /\ forall fuel, (length out <= fuel)%nat -> parse_dirents fuel bytes = Some out.

Lemma parses_nil : parses [] [].
Proof. split; [done|]. by intros []. Qed.
Lemma parses_cons reclen d_ino p d_type name bytes out : lenZ name + 20 <= reclen <= u16_max -> ~ In 0 name -> 0 <= p < i64_max ->
  parses bytes out -> parses (dirent_bytes reclen d_ino (p + 1) d_type name ++ bytes) ((p, name) :: out).
Proof.
  intros H1 H2 H3 [H4 H5]. split.
  - rewrite length_app, dirent_bytes_length by lia. cbn. lia.
  - intros [|fuel] Hf; cbn in Hf; [lia|]. apply parse_dirent; auto. apply H5. lia.
Qed.

Definition entry_of (x : Z * list Z * nat) : Entry := (fst (fst x) + 2, snd (fst x)).

Lemma list_entries_spec s l buf pos cookie buf' pos' next eof : (pos <= length buf)%nat ->
  (forall ck name i, In (ck, name, i) l -> 0 <= ck /\ ~ In 0 name) -> list_entries s l buf pos cookie = Ok (buf', pos', next, eof) ->
  exists l1 l2 bytes, l = l1 ++ l2 /\ (pos' <= length buf')%nat /\ take pos' buf' = take pos buf ++ bytes /\ parses bytes (map entry_of l1)
    /\ if eof then l2 = [] /\ next = match last l1 with Some x => fst (entry_of x) + 1 | None => cookie end
       else exists x l3, l2 = x :: l3 /\ next = fst (entry_of x) /\ (l1 = [] -> pos <> 0%nat).
Proof.
  revert buf pos cookie. induction l as [|[[ck name] i] l IH]; intros buf pos cookie Hpos Hl E.
  { injection E as <- <- <- <-. exists [], [], []. split_and!; try done; [by rewrite app_nil_r|apply parses_nil]. }
  cbn [list_entries] in E. destruct (Hl ck name i) as [Hck Hname]; [by left|].
  destruct (Z.leb_spec ck i64_max); cbn [ok_or] in E; [|done]. unfold checked_add_i64 in E.
  destruct ((_ <=? ck + 2) && _) eqn:E1; cbn [ok_or] in E; [|done]. destruct ((_ <=? ck + 2 + 1) && _) eqn:E2; cbn [ok_or] in E; [|done].
  apply andb_true_iff in E2 as [_ E2%Z.leb_le]. destruct (get s i) as [n|]; cbn [ok_or] in E; [|done].
  destruct (write_dirent64 buf pos (ino n) (ck + 2 + 1) (dirent_type n) name) as [buf1 w] eqn:Ew.
  destruct (write_dirent_spec _ _ _ _ _ _ _ _ Hpos Ew) as [[-> ->]|(reclen & Hr & Hw & Hle & Hlen & Htake)].
  - cbn in E. unfold full in E. destruct (Nat.eqb_spec pos 0) as [|Hp0]; [done|]. injection E as <- <- <- <-.
    exists [], ((ck, name, i) :: l), []. split_and!; try done; [by rewrite app_nil_r|apply parses_nil|]. by exists (ck, name, i), l.
  - rewrite (proj2 (Nat.eqb_neq w 0)) in E by lia.
    destruct (IH buf1 (pos + w)%nat (ck + 2 + 1)) as (l1 & l2 & bytes & -> & H2 & H3 & H4 & H5); [lia|intros; apply (Hl ck0 name0 i0); by right|done|].
    exists ((ck, name, i) :: l1), l2, (dirent_bytes reclen (ino n) (ck + 2 + 1) (dirent_type n) name ++ bytes). split_and!; auto.
    + by rewrite H3, Htake, <- app_assoc.
    + cbn [map]. apply (parses_cons reclen (ino n) (ck + 2)); auto. lia.
    + destruct eof; [|destruct H5 as (x & l3 & -> & -> & _); by exists x, l3]. destruct H5 as [-> ->]. split; [done|].
      rewrite last_cons. by destruct (last l1).
Qed.

(** The entries of a directory by their positions. *)
Definition entry_at (e : DirEntries) (p : Z) (name : list Z) : Prop :=
  p = 0 /\ name = [dot] \/ p = 1 /\ name = [dot; dot] \/ 2 <= p /\ by_cookie e !! (p - 2) = Some name.

(** Positions grow. *)
Abbreviation increasing := (StronglySorted (fun a b : Entry => fst a < fst b)).

#[export] Instance cookie_le_total {A} : Total (@cookie_le A).
Proof. intros a b. unfold cookie_le. lia. Qed.

Lemma resolve_cookies e ks : (forall ck name, In (ck, name) ks -> exists i c, by_name e !! name = Some (i, c)) ->
  exists l, mapM (fun kv : Z * list Z => match by_name e !! snd kv with Some (i, _) => Some (fst kv, snd kv, i) | None => None end) ks = Some l /\ map fst l = ks.
Proof.
  induction ks as [|[ck name] ks IH]; intros Hk; [by exists []|]. destruct (Hk ck name) as (i & c & Hi); [by left|].
  destruct IH as (l & El & Hl); [intros; eapply Hk; by right|]. exists ((ck, name, i) :: l). cbn. rewrite Hi. cbn. rewrite El. cbn. by rewrite Hl.
Qed.

Lemma from_cookie_spec e first : entries_ok e ->
  exists l, from_cookie first e = Some l /\ StronglySorted (fun a b => fst (entry_of a) < fst (entry_of b)) l
    /\ forall ck name, (exists i, In (ck, name, i) l) <-> by_cookie e !! ck = Some name /\ first <= ck.
Proof.
  intros (O1 & O2 & O3). set (ks := cookies_from first e).
  assert (forall ck name, In (ck, name) ks <-> by_cookie e !! ck = Some name /\ first <= ck) as Hks.
  { intros ck name. unfold ks, cookies_from. rewrite (merge_sort_Permutation cookie_le), filter_In, <- list_elem_of_In, elem_of_map_to_list. cbn. by rewrite Z.leb_le. }
  assert (StronglySorted (fun a b : Z * list Z => fst a < fst b) ks) as Hsort.
  { assert (StronglySorted cookie_le ks) as Hs.
    { apply Sorted_StronglySorted; [intros a b c; unfold cookie_le; lia|]. apply (Sorted_merge_sort cookie_le). }
    assert (NoDup (map fst ks)) as Hnd.
    { unfold ks, cookies_from. rewrite (merge_sort_Permutation cookie_le). pose proof (NoDup_fst_map_to_list (by_cookie e)) as Hn.
      revert Hn. generalize (map_to_list (by_cookie e)). intros kl. induction kl as [|[k v] kl IH]; [done|]. cbn. rewrite NoDup_cons. intros [Hk Hn].
      destruct (first <=? k); [|by apply IH]. cbn. rewrite NoDup_cons. split; [|by apply IH]. intros Hin. apply Hk.
      apply list_elem_of_In, in_map_iff in Hin as (x & <- & [Hx _]%filter_In). apply list_elem_of_In, in_map_iff. eauto. }
    clear -Hs Hnd. induction Hs as [|a l Hl IH Ha]; constructor; cbn in Hnd; apply NoDup_cons in Hnd as [Hn Hnd].
    - by apply IH.
    - apply List.Forall_forall. intros b Hb. rewrite List.Forall_forall in Ha. specialize (Ha b Hb). unfold cookie_le in Ha.
      assert (fst a <> fst b); [|lia]. intros Eab. apply Hn. rewrite Eab. apply list_elem_of_In, in_map. done. }
  destruct (resolve_cookies e ks) as (l & El & Hl).
  { intros ck name [Hc _]%Hks. apply O1 in Hc as [i Hi]. eauto. }
  exists l. split; [done|]. split.
  - rewrite <- Hl in Hsort. clear -Hsort. induction l as [|x l IH]; [constructor|]. cbn in Hsort. inversion Hsort as [|? ? H1 H2]; subst.
    constructor; [by apply IH|]. apply List.Forall_forall. intros y Hy. rewrite List.Forall_forall in H2. specialize (H2 (fst y) (in_map fst l y Hy)).
    unfold entry_of. cbn. lia.
  - intros ck name. rewrite <- Hks, <- Hl, in_map_iff. split; [intros [i Hi]; by exists (ck, name, i)|].
    intros ([x i] & E & Hi). cbn in E. subst x. eauto.
Qed.

(** What a listing from [cookie] on adds to the buffer behind [pos]. *)
Definition lists (e : DirEntries) (buf : list Z) (pos : nat) (cookie : Z) (r : result Listing) : Prop :=
  forall buf' pos' next eof, r = Ok (buf', pos', next, eof) ->
  exists listed bytes, take pos' buf' = take pos buf ++ bytes /\ parses bytes listed /\ increasing listed
    /\ (forall p name, In (p, name) listed <-> entry_at e p name /\ cookie <= p < next) /\ cookie <= next
    /\ if eof then forall p name, entry_at e p name -> p < next else listed = [] -> pos <> 0%nat.

Section Listing.
Context (s : TmpfsState) (e : DirEntries) (He : entries_ok e) (Hname : forall ck name, by_cookie e !! ck = Some name -> ~ In 0 name).

(** A record that does not fit ends the listing where it is. *)
Lemma lists_full buf pos cookie : lists e buf pos cookie (full buf pos cookie).
Proof.
  intros buf' pos' next eof. unfold full. destruct (Nat.eqb_spec pos 0) as [|Hp]; [done|]. intros E. injection E as <- <- <- <-.
  exists [], []. rewrite app_nil_r. split_and!; auto using parses_nil; [constructor| |lia]. intros p name. split; [by intros []|lia].
Qed.

Lemma increasing_snoc l (x : Entry) : (forall y, In y l -> fst x < fst y) -> increasing l -> increasing (x :: l).
Proof. intros Hx Hl. constructor; [done|]. by apply List.Forall_forall. Qed.

Lemma lists_tail buf pos cookie : 2 <= cookie -> (pos <= length buf)%nat ->
  exists r, match from_cookie (Z.max 0 (cookie - 2)) e with Some l => Some (list_entries s l buf pos cookie) | None => None end = Some r
    /\ lists e buf pos cookie r.
Proof.
  intros Hc Hpos. destruct (from_cookie_spec e (Z.max 0 (cookie - 2)) He) as (l & -> & Hsort & Hin). eexists. split; [done|].
  pose proof He as (O1 & O2 & O3). intros buf' pos' next eof E.
  destruct (list_entries_spec s l buf pos cookie buf' pos' next eof Hpos) as (l1 & l2 & bytes & -> & _ & Htake & Hparse & Heof); [|done|].
  { intros ck name i Hi. assert (by_cookie e !! ck = Some name) as Hb by (apply Hin; eauto). split; [apply O2 in Hb; lia|by apply (Hname ck)]. }
  assert (forall x, In x (l1 ++ l2) -> cookie <= fst (entry_of x)) as Hge.
  { intros [[ck name] i] Hi. assert (by_cookie e !! ck = Some name /\ Z.max 0 (cookie - 2) <= ck) as [_ Hb] by (apply Hin; eauto). cbn. lia. }
  assert (forall x y, In x l1 -> In y l2 -> fst (entry_of x) < fst (entry_of y)) as Hxy.
  { clear -Hsort. induction l1 as [|z l1 IH]; [by intros x y []|]. cbn in Hsort. inversion Hsort as [|? ? H1 H2]; subst. rewrite List.Forall_forall in H2.
    intros x y [<-|Hx] Hy; [apply H2, in_or_app; auto|by apply IH]. }
  assert (increasing (map entry_of l1)) as Hinc.
  { clear -Hsort. induction l1 as [|z l1 IH]; [constructor|]. cbn in Hsort. inversion Hsort as [|? ? H1 H2]; subst. rewrite List.Forall_forall in H2.
    cbn. apply increasing_snoc; [|by apply IH]. intros y (x & <- & Hx)%in_map_iff. apply H2, in_or_app. auto. }
  assert (forall x, In x l1 -> eof = true -> fst (entry_of x) < next) as Hlast.
  { intros x Hx ->. destruct Heof as [-> ->]. clear -Hsort Hx. rewrite app_nil_r in Hsort. induction l1 as [|z l1 IH]; [by destruct Hx|].
    inversion Hsort as [|? ? H1 H2]; subst. rewrite List.Forall_forall in H2. rewrite last_cons. specialize (IH H1).
    destruct (last l1) as [w|] eqn:El.
    - destruct Hx as [<-|Hx]; [|by apply IH]. apply last_Some in El as [l' ->]. pose proof (H2 w ltac:(apply in_or_app; right; by left)). lia.
    - apply last_None in El. subst l1. destruct Hx as [<-|[]]. lia. }
  assert (forall p name, In (p, name) (map entry_of l1) <-> exists i, In (p - 2, name, i) l1) as Hmap.
  { intros p name. rewrite in_map_iff. split.
    - intros ([[ck n] i] & E1 & Hi). cbn in E1. injection E1 as <- <-. exists i. by replace (ck + 2 - 2) with ck by lia.
    - intros [i Hi]. exists (p - 2, name, i). split; [|done]. cbn. unfold entry_of. cbn. f_equal. lia. }
  assert (forall p name, entry_at e p name -> cookie <= p -> exists i, In (p - 2, name, i) (l1 ++ l2)) as Hall.
  { intros p name [[-> _]|[[-> _]|[Hp Hb]]] Hge'; [lia..|]. apply Hin. split; [done|]. lia. }
  assert (forall p name i, In (p - 2, name, i) (l1 ++ l2) -> entry_at e p name) as Hentry.
  { intros p name i Hi. assert (by_cookie e !! (p - 2) = Some name) as Hb by (apply Hin; eauto). right. right. split; [|done].
    apply O2 in Hb. lia. }
  assert (cookie <= next) as Hnext.
  { destruct eof.
    - destruct Heof as [-> Hn]. destruct (last l1) as [x|] eqn:El; [|lia]. apply last_Some in El as [l' El]. specialize (Hge x). rewrite Hn.
      assert (cookie <= fst (entry_of x)); [|lia]. apply Hge. rewrite El, app_nil_r. apply in_or_app. right. by left.
    - destruct Heof as (x & l3 & -> & -> & _). apply Hge, in_or_app. right. by left. }
  exists (map entry_of l1), bytes. split_and!; auto.
  - intros p name. rewrite Hmap. split.
    + intros [i Hi]. assert (In (p - 2, name, i) (l1 ++ l2)) as Hi' by (apply in_or_app; auto). split; [by apply (Hentry p name i)|].
      specialize (Hge _ Hi'). cbn in Hge. split; [lia|]. destruct eof.
      * specialize (Hlast _ Hi eq_refl). cbn in Hlast. lia.
      * destruct Heof as (x & l3 & -> & -> & _). specialize (Hxy _ x Hi (or_introl eq_refl)). cbn in Hxy |- *. lia.
    + intros [Ha [H1 H2]]. destruct (Hall p name Ha H1) as [i Hi]. exists i. apply in_app_or in Hi as [Hi|Hi]; [done|exfalso].
      destruct eof; [by destruct Heof as [-> _]|]. destruct Heof as (x & l3 & -> & -> & _). destruct Hi as [->|Hi].
      * cbn in H2. lia.
      * assert (StronglySorted (fun a b => fst (entry_of a) < fst (entry_of b)) (x :: l3)) as Hs.
        { clear -Hsort. induction l1 as [|z l1 IH]; [done|]. apply IH. by inversion Hsort. }
        inversion Hs as [|? ? _ H3]; subst. rewrite List.Forall_forall in H3. specialize (H3 _ Hi). cbn in H3, H2. lia.
  - destruct eof.
    + intros p name Ha. destruct (decide (cookie <= p)) as [Hge'|]; [|lia]. destruct (Hall p name Ha Hge') as [i Hi].
      destruct Heof as [-> _]. rewrite app_nil_r in Hi. specialize (Hlast _ Hi eq_refl). cbn in Hlast. lia.
    + destruct Heof as (x & l3 & -> & _ & Hp). intros Hnil. apply Hp. by destruct l1.
Qed.

(** The record of [.] or [..] and what follows. *)
Lemma lists_dot di c name (k : list Z -> nat -> Z -> option (result Listing)) buf pos : (c = 0 /\ name = [dot] \/ c = 1 /\ name = [dot; dot]) -> (pos <= length buf)%nat ->
  (forall buf pos, (pos <= length buf)%nat -> exists r, k buf pos (c + 1) = Some r /\ lists e buf pos (c + 1) r) ->
  exists r, (let '(buf', written) := write_dirent64 buf pos di (c + 1) DT_DIR name in
             if (written =? 0)%nat then Some (full buf pos c) else k buf' (pos + written)%nat (c + 1)) = Some r /\ lists e buf pos c r.
Proof.
  intros Hc Hpos Hk. destruct (write_dirent64 buf pos di (c + 1) DT_DIR name) as [buf1 w] eqn:Ew.
  destruct (write_dirent_spec _ _ _ _ _ _ _ _ Hpos Ew) as [[-> ->]|(reclen & Hr & Hw & Hle & Hlen & Htake)].
  { cbn. eexists. split; [done|]. apply lists_full. }
  rewrite (proj2 (Nat.eqb_neq w 0)) by lia. destruct (Hk buf1 (pos + w)%nat Hle) as (r & -> & Hl). exists r. split; [done|].
  intros buf' pos' next eof E. destruct (Hl buf' pos' next eof E) as (listed & bytes & H1 & H2 & H3 & H4 & H5 & H6).
  assert (~ In 0 name) as Hz by (destruct Hc as [[_ ->]|[_ ->]]; cbn; unfold dot; lia).
  exists ((c, name) :: listed), (dirent_bytes reclen di (c + 1) DT_DIR name ++ bytes). split_and!.
  - by rewrite H1, Htake, <- app_assoc.
  - apply parses_cons; auto. unfold i64_max. lia.
  - apply increasing_snoc; [|done]. intros [p n] [_ Hp]%H4. cbn. lia.
  - intros p n. cbn. rewrite H4. split.
    + intros [E1|[Ha Hp]]; [|split; [done|lia]]. injection E1 as <- <-. split; [|lia]. unfold entry_at. tauto.
    + intros [Ha Hp]. destruct (decide (p = c)) as [->|]; [left|right; split; [done|lia]]. f_equal. unfold entry_at in Ha.
      destruct Hc as [[-> ->]|[-> ->]]; destruct Ha as [[? ->]|[[? ->]|[? _]]]; done || lia.
  - lia.
  - destruct eof; [done|]. done.
Qed.

Lemma lists_dots di buf offset : 0 <= offset ->
  exists r, list_dots di buf offset (fun buf pos cookie =>
              match from_cookie (Z.max 0 (cookie - 2)) e with Some l => Some (list_entries s l buf pos cookie) | None => None end) = Some r
    /\ lists e buf 0 offset r.
Proof.
  intros Ho. unfold list_dots.
  assert (forall buf pos, (pos <= length buf)%nat -> exists r, (let '(buf', written) := write_dirent64 buf pos di (1 + 1) DT_DIR [dot; dot] in
    if (written =? 0)%nat then Some (full buf pos 1) else
      match from_cookie (Z.max 0 (1 + 1 - 2)) e with Some l => Some (list_entries s l buf' (pos + written)%nat (1 + 1)) | None => None end) = Some r /\ lists e buf pos 1 r) as H1.
  { intros b pos Hpos. apply (lists_dot di 1 [dot; dot] (fun buf pos cookie =>
      match from_cookie (Z.max 0 (cookie - 2)) e with Some l => Some (list_entries s l buf pos cookie) | None => None end)); auto.
    intros. by apply lists_tail. }
  destruct (decide (offset = 0)) as [->|H0]; [|destruct (decide (offset = 1)) as [->|H1']].
  - apply (lists_dot di 0 [dot] (fun buf pos cookie => if cookie =? 1 then
        let '(buf', written) := write_dirent64 buf pos di (1 + 1) DT_DIR [dot; dot] in
        if (written =? 0)%nat then Some (full buf pos cookie) else
          match from_cookie (Z.max 0 (1 + 1 - 2)) e with Some l => Some (list_entries s l buf' (pos + written)%nat (1 + 1)) | None => None end
      else match from_cookie (Z.max 0 (cookie - 2)) e with Some l => Some (list_entries s l buf pos cookie) | None => None end) buf 0%nat); auto. lia.
  - apply H1. lia.
  - rewrite (proj2 (Z.eqb_neq offset 0)), (proj2 (Z.eqb_neq offset 1)) by done. apply lists_tail; lia.
Qed.
End Listing.

(** ** Listings of reachable directories *)

(** What a listing returned, as its reader sees it. *)
Definition listing (s : TmpfsState) (path : list Z) (size : nat) (offset : Z) (d : nat) (listed : list Entry) (next : Z) (eof : bool) : Prop :=
  exists s' buf buf' pos, length buf = size /\ getdents64 path buf offset s = Some (s', Ok (buf', pos, next, eof)) /\ walk_path path s = Some (s', Ok d)
    /\ parse_dirents pos (take pos buf') = Some listed.

(** Names are C strings. *)
Definition no_nul (e : DirEntries) : Prop := forall ck name, by_cookie e !! ck = Some name -> ~ In 0 name.

Lemma getdents_spec {os ps s} (H : good os ps s) path buf offset s' buf' pos next eof :
  getdents64 path buf offset s = Some (s', Ok (buf', pos, next, eof)) ->
  exists d n e, walk_path path s = Some (s', Ok d) /\ good os ps s' /\ get s' d = Some n /\ kind n = Dir e /\ 0 <= offset /\
    (no_nul e -> exists listed, parse_dirents pos (take pos buf') = Some listed /\ increasing listed
       /\ (forall p name, In (p, name) listed <-> entry_at e p name /\ offset <= p < next)
       /\ if eof then forall p name, entry_at e p name -> p < next else listed <> []).
Proof.
  intros E. unfold getdents64 in E. destruct (Z.ltb_spec offset 0); [done|].
  pose proof (walk_path_spec H path) as HW. unfold wp in HW. unfold op_bind at 1 in E.
  destruct (walk_path path s) as [[s1 [d|e1]]|] eqn:Ew; [|done|done]. destruct HW as (H1 & X1 & m & rel & _ & _ & [n Hn]).
  unfold op_bind, get_or, op_bind, op_get, op_lift in E. rewrite <- tab_get, Hn in E. cbn [ok_or] in E.
  destruct (kind n) as [e| | | |] eqn:Ek; try done.
  destruct (f_dir _ _ _ _ _ _ _ _ (holds_fs H1) d n e Hn Ek) as (Hok & _).
  assert (s' = s1) as ->. { destruct (list_dots _ _ _ _); [|done]. injection E as <- _. done. }
  exists d, n, e. split_and!; auto; [by rewrite <- tab_get|]. intros Hz.
  destruct (lists_dots s1 e Hok Hz (ino n) buf offset) as (r & Er & Hl); [done|].
  rewrite Er in E. injection E as ->. destruct (Hl buf' pos next eof eq_refl) as (listed & bytes & A1 & [A2 A2'] & A3 & A4 & A5 & A6).
  rewrite take_0 in A1. cbn in A1. exists listed. split_and!; auto.
  - rewrite A1. apply A2'. apply (Nat.le_trans _ (length bytes)); [done|]. rewrite <- A1, length_take. lia.
  - destruct eof; [done|]. intros ->. by apply A6.
Qed.
