(* ===== verification/TmpfsThms.v ===== *)
(** * Theorems on the in-memory file system

    What holds in every state that a sequence of calls reaches: of the names,
    as long as no rename replaces a file that has other names (TmpfsRun.v); of
    the references and accounts, whatever the calls (TmpfsHeld.v,
    TmpfsQuota.v). *)

From S2P Require Import Prelude Path NameTree Tmpfs TmpfsInv TmpfsSteps TmpfsOps TmpfsMove TmpfsTree TmpfsData TmpfsOpen TmpfsRun TmpfsAlong TmpfsQuota TmpfsHeld TmpfsList.

(** ** Reachable states *)

Section Reach.
Context (source_read : Z -> Z -> Z -> result (list Z)).

(** The state with the references that are open and mapped in it. *)
Inductive reach : list nat -> list nat -> TmpfsState -> Prop :=
  | reach_new : reach [] [] new
  | reach_call os ps s c s' r : reach os ps s -> allowed c os s -> run source_read c s = Some (s', r) ->
      reach (opens_after c r os) (pins_after c r ps) s'.

(** A sequence of calls, as long as they do not panic. *)
Fixpoint play (cs : list Call) (st : list nat * list nat * TmpfsState) : option (list nat * list nat * TmpfsState) :=
  match cs with
  | [] => Some st
  | c :: cs =>
      let '(os, ps, s) := st in
      match run source_read c s with
      | Some (s', r) => play cs (opens_after c r os, pins_after c r ps, s')
      | None => None
      end
  end.
Definition free_call (c : Call) : bool := match c with CRename _ _ | CAddRef _ => false | _ => true end.

Lemma play_reach cs os ps s os' ps' s' : reach os ps s -> forallb free_call cs = true -> play cs (os, ps, s) = Some (os', ps', s') -> reach os' ps' s'.
Proof.
  revert os ps s. induction cs as [|c cs IH]; intros os ps s HR Hf Hp; [by injection Hp as <- <- <-|]. cbn in Hf, Hp.
  apply andb_true_iff in Hf as [Hc Hf]. destruct (run source_read c s) as [[s1 r]|] eqn:E; [|done].
  apply (IH _ _ _ (reach_call os ps s c s1 r HR ltac:(by destruct c) E) Hf Hp).
Qed.

Lemma play_traced cs os ps s os' ps' s' : traced source_read os ps s -> forallb free_call cs = true -> play cs (os, ps, s) = Some (os', ps', s') ->
  traced source_read os' ps' s'.
Proof.
  revert os ps s. induction cs as [|c cs IH]; intros os ps s HR Hf Hp; [by injection Hp as <- <- <-|]. cbn in Hf, Hp.
  apply andb_true_iff in Hf as [Hc Hf]. destruct (run source_read c s) as [[s1 r]|] eqn:E; [|done].
  apply (IH _ _ _ (traced_call source_read os ps s c s1 r HR ltac:(by destruct c) E) Hf Hp).
Qed.

Lemma good_new : good [] [] new.
Proof.
  assert (forall i, tab new !! i = None) as Ht by (intros i; by rewrite tab_get).
  assert (forall r, ~ In (Some r) (mount_roots new)) as Hr by (intros r (x & E & _)%in_map_iff; done).
  assert (forall d n, names new d n = None) as Hn by (intros d n; unfold child; by rewrite Ht).
  assert (forall i, ~ isd (tab new) i) as Hd by (intros i; unfold isd, dirb; by rewrite Ht).
  split; [|split; [|done]].
  - split; [apply NoDup_nil_2|]. split; [|done]. intros i. cbn. split; [intros E; by apply not_elem_of_nil in E|by destruct i].
  - split; try (intros; exfalso; rewrite ?Hn, ?Ht in *; done).
    + split; try (intros; exfalso; rewrite ?Hn in *; done).
    + intros m r E. exfalso. apply (Hr r). apply list_elem_of_In, list_elem_of_lookup. eauto.
    + intros i. cbn. tauto.
    + exists (fun _ => 0). split; [done|]. rewrite tab_new. apply map_ext. intros m. unfold used. by rewrite map_sum_empty.
    + done.
Qed.

Lemma reach_good os ps s : reach os ps s -> good os ps s.
Proof.
  induction 1 as [|os ps s c s' r HR IH Ha E]; [apply good_new|].
  apply (wp_run _ _ _ _ s' r (run_call_spec source_read IH c Ha) E).
Qed.
End Reach.

(** ** Names and inodes *)

Section Theorems.
Context (source_read : Z -> Z -> Z -> result (list Z)).
Abbreviation reach := (reach source_read).

Lemma links_name (t : Tab) i : 0 < links t i -> exists d n, child t d n = Some i.
Proof.
  unfold links. induction t as [|d nd t Hd IH] using map_ind; [rewrite map_sum_empty; lia|]. rewrite map_sum_insert by done. intros Hpos.
  destruct (in_dec Nat.eq_dec i (kids nd)) as [Hin|Hno].
  - exists d. unfold kids in Hin. destruct (kind nd) as [e| | | |] eqn:Ek; try done. apply in_children in Hin as (n & ck & Hn). exists n.
    unfold child. rewrite lookup_insert_eq, Ek. apply get_name_Some. eauto.
  - rewrite occ_zero in Hpos by done. destruct IH as (d' & n & Hc); [lia|]. exists d', n. unfold child in Hc |- *.
    rewrite lookup_insert_ne; [done|]. intros <-. by rewrite Hd in Hc.
Qed.

Lemma at_path_snoc {os ps s} (H : good os ps s) d n i : names s d n = Some i -> exists m q, at_path s m q = Some i.
Proof.
  intros Hc. pose proof (f_tree _ _ _ _ _ _ _ _ (holds_fs H)) as T.
  destruct (tree_reach _ _ _ T d) as (r & q & [Hr|[]] & _ & Hq); [by apply (tree_dir _ _ _ T d n i)|].
  apply list_elem_of_In, list_elem_of_lookup in Hr as [m Hm]. exists m, (q ++ [n]). rewrite (at_mounted s m r) by done. by rewrite find_snoc, Hq.
Qed.

Lemma live_reachable {os ps s} (H : good os ps s) i n : get s i = Some n -> (exists m q, at_path s m q = Some i) \/ In i os \/ In i ps.
Proof.
  rewrite <- tab_get. intros Hi. destruct (is_dir_inode n) eqn:Hd.
  - left. pose proof (f_tree _ _ _ _ _ _ _ _ (holds_fs H)) as T.
    destruct (tree_reach _ _ _ T i) as (r & q & [Hr|[]] & _ & Hq); [unfold isd, dirb; by rewrite Hi|].
    apply list_elem_of_In, list_elem_of_lookup in Hr as [m Hm]. exists m, q. by rewrite (at_mounted s m r).
  - destruct (f_file _ _ _ _ _ _ _ _ (holds_fs H) i n Hi Hd) as (G1 & G2). specialize (G2 (fun x => x)).
    destruct (f_refs _ _ _ _ _ _ _ _ (holds_fs H) i n Hi) as (R1 & R2 & _). unfold occ at 1 in G1. rewrite cnt_nil in G1.
    pose proof (links_nonneg (tab s) i). unfold unreferenced in G2. destruct (Z.eqb_spec (nlink n) 0) as [E|].
    + right. rewrite !occ_pos, <- R1, <- R2. pose proof (cnt_nonneg (Nat.eqb i) os). pose proof (cnt_nonneg (Nat.eqb i) ps). unfold occ in *.
      destruct (Z.eqb_spec (open_count n) 0), (Z.eqb_spec (map_pins n) 0); cbn in G2; try done; lia.
    + left. destruct (links_name (tab s) i) as (d & k & Hc); [lia|]. by apply (at_path_snoc H d k).
Qed.

(** C4. No dangling name and no leak, as long as no rename replaces a file that
    has other names (with normalized paths, and references added to open files
    only: [allowed]). In every state such calls reach each path leads to a live
    inode, each open or mapped inode is live, each live inode has a path or a
    reference, and the counts of an inode are exact: its link count is the
    number of its names (2 and the number of subdirectories for a directory),
    its open count and its pins are those of the ledgers. *)
Theorem tmpfs_names_and_inodes os ps s : reach os ps s ->
  (forall m q i, at_path s m q = Some i -> is_Some (get s i))
  /\ (forall i, In i os \/ In i ps -> is_Some (get s i))
  /\ (forall i n, get s i = Some n -> (exists m q, at_path s m q = Some i) \/ In i os \/ In i ps)
  /\ (forall i n, get s i = Some n -> open_count n = occ i os /\ map_pins n = occ i ps
        /\ nlink n = if is_dir_inode n then 2 + subdirs (tab s) n else links (tab s) i).
Proof.
  intros H%reach_good. split_and!.
  - intros m q i. unfold at_path. destruct (mount_roots s !! m) as [[r|]|] eqn:M; try done. intros Hq.
    destruct (root_live H m r M) as (nr & _ & Hr & _). destruct (find_dev H r q i nr Hr Hq) as (n & Hi & _). rewrite <- tab_get. eauto.
  - intros i Hi. destruct (f_held _ _ _ _ _ _ _ _ (holds_fs H) i Hi) as (n & Hn & _). rewrite <- tab_get. eauto.
  - apply (live_reachable H).
  - intros i n Hi. rewrite <- tab_get in Hi. destruct (f_refs _ _ _ _ _ _ _ _ (holds_fs H) i n Hi) as (R1 & R2 & _). split_and!; auto.
    destruct (is_dir_inode n) eqn:Hd; [by apply (nlink_exact H i)|].
    destruct (f_file _ _ _ _ _ _ _ _ (holds_fs H) i n Hi Hd) as (G1 & _). unfold occ at 1 in G1. rewrite cnt_nil in G1. lia.
Qed.

(** C3. The namespace. On paths that are normalized, and as long as no rename
    replaces a file that has other names ([allowed]), a call does to the map
    from paths to inodes exactly what its specification [effect] says (nothing
    when it fails): a creation adds one name, a removal takes a name and
    everything below it away, a rename moves a subtree and replaces the
    destination, a link adds a name for the same inode. Mounts used for the
    first time appear with their layout and change no existing path. *)
Theorem tmpfs_refines_namespace os ps s c s' r : reach os ps s -> allowed c os s -> run source_read c s = Some (s', r) ->
  exists s1 ch, (forall m root q, mounted m root s -> at_path s1 m q = at_path s m q)
    /\ match r with Ok _ => effect c (at_path s1) ch | Err _ => ch = Keep end
    /\ forall m q, at_path s' m q = changed ch (at_path s1) m q.
Proof.
  intros H%reach_good Ha E. destruct (wp_run _ _ _ _ s' r (run_call_spec source_read H c Ha) E) as (_ & s1 & ch & X & He & Hc).
  exists s1, ch. split; [|done]. intros m root q M. by apply (at_extends H m root).
Qed.

(** Calls that take names away. *)
Definition removes_names (c : Call) : bool :=
  match c with CUnlink _ | CRmdir _ | CRemoveTree _ | CRename _ _ => true | _ => false end.

(** C22. An open file outlives its names. In any history of calls (references
    are added to open files only), whatever is unlinked, removed with a tree
    or replaced by a rename, a file that is open or mapped is there and stays
    at its inode with its bytes, attributes, references and metadata; only its
    link count changes. *)
Theorem open_file_outlives_its_names os ps s c s' r i : traced source_read os ps s -> removes_names c = true ->
  run source_read c s = Some (s', r) -> In i os \/ In i ps ->
  exists n l, get s i = Some n /\ is_dir_inode n = false /\ get s' i = Some (with_nlink n l).
Proof.
  intros (Hs & (x & Hx) & L)%traced_counted Hc E Hh. setoid_rewrite <- tab_get. destruct (proj2 L i Hh) as (n & Hi & Hd).
  assert (along (keeps same_but_links) (run source_read c)) as Hrun.
  { destruct c; try done; cbn [run]; unfold silent; (apply along_bind; [|auto with along]); auto with along. }
  destruct (proj1 (proj2 (Hrun s s' r E) x Hs Hx) i n Hi Hd) as (n' & Hi' & Hsame); [by apply (ledger_referenced L i)|].
  exists n, (nlink n'). rewrite Hi'. unfold same_but_links in Hsame. by rewrite <- Hsame.
Qed.

(** ** Content *)

Lemma read_regular h offset size s i n data : handle_inode h = Some i -> get s i = Some n -> kind n = Regular data -> 0 <= offset < 2 ^ 32 ->
  read source_read h offset size s = Some (s, Ok (read_bytes data (Z.to_nat offset) size)).
Proof.
  intros Hh Hi Hk Ho. unfold read, inode_of. unfold handle_inode in Hh. destruct (file_handle_to_inode h) as [j|]; [|done]. injection Hh as ->.
  unfold op_bind, op_lift. rewrite (proj2 (Z.ltb_ge _ _)) by lia. unfold get_or, op_bind, op_get, op_lift. rewrite Hi. cbn [ok_or]. rewrite Hk.
  unfold as_u32. rewrite Z.mod_small by lia. unfold op_ret. do 3 f_equal. unfold read_bytes. destruct (Z.leb_spec (lenZ data) offset); [|done].
  rewrite drop_ge by lia. by rewrite take_nil.
Qed.

(** C31. A write is what later reads see. A successful write at an offset below
    2^32 replaces those bytes of the file and fills a gap with zeros; every
    other byte of the file, and every other file, reads as before. *)
Theorem write_then_read os ps s mem h offset buf s' k : reach os ps s -> write mem h offset buf s = Some (s', Ok k) -> 0 <= offset < 2 ^ 32 ->
  k = lenZ buf /\ exists before after,
    (forall o size, 0 <= o < 2 ^ 32 -> read source_read h o size s = Some (s, Ok (read_bytes before (Z.to_nat o) size)))
    /\ (forall o size, 0 <= o < 2 ^ 32 -> read source_read h o size s' = Some (s', Ok (read_bytes after (Z.to_nat o) size)))
    /\ (forall j, after !! j = if decide (Z.to_nat offset <= j < Z.to_nat offset + length buf)%nat then buf !! (j - Z.to_nat offset)%nat
                    else if decide (j < length before)%nat then before !! j
                    else if decide (j < Z.to_nat offset + length buf)%nat then Some 0 else None)
    /\ (forall h', handle_inode h' <> handle_inode h -> forall o size, exists x, read source_read h' o size s = Some (s, x) /\ read source_read h' o size s' = Some (s', x)).
Proof.
  intros H%reach_good E Ho. pose proof (wp_run _ _ _ _ _ _ (write_handle_spec H mem h offset buf) E) as Hx. cbv beta in Hx.
  destruct Hx as (-> & _ & Hle & i & data & Hh & (n0 & Hn0 & Hk0) & G & n & n' & d & Hi & Hk & Hk' & _ & _ & _ & T & _). split; [done|].
  assert (n0 = n /\ d = data) as [-> ->] by (assert (n0 = n) as -> by congruence; split; congruence).
  assert (as_u32 offset = offset) as Es by (unfold as_u32; apply Z.mod_small; lia). rewrite Es in Hk'.
  exists data, (written (Z.to_nat offset) buf data). split_and!.
  - intros o size Hoo. apply (read_regular h o size s i n data); auto. by rewrite <- tab_get.
  - intros o size Hoo. apply (read_regular h o size s' i n' _ Hh); auto. rewrite <- tab_get, T. apply lookup_insert_eq.
  - intros j. apply written_lookup.
  - intros h' Hne o size. unfold handle_inode in Hne, Hh. rewrite Hh in Hne.
    unfold read, inode_of, op_bind, op_lift. destruct (file_handle_to_inode h') as [j|e]; [|eauto].
    destruct (o <? 0); [unfold op_err; eauto|]. unfold get_or, op_bind, op_get, op_lift.
    assert (get s' j = get s j) as ->. { rewrite <- !tab_get, T, lookup_insert_ne; [done|]. intros ->. by apply Hne. }
    destruct (get s j) as [nj|]; cbn [ok_or]; [|eauto]. destruct (kind nj) as [| | | |source total]; unfold op_ret, op_err; eauto.
    destruct (total <=? o); [eauto|]. destruct (source_read _ _ _); [|eauto]. destruct (_ <? _); eauto.
Qed.

(** A write that fails changes nothing, the accounts of the mount included. *)
Theorem failed_write_changes_nothing os ps s mem h offset buf s' e : reach os ps s -> write mem h offset buf s = Some (s', Err e) -> s' = s.
Proof. intros H%reach_good E. apply (wp_run _ _ _ _ _ _ (write_handle_spec H mem h offset buf) E). Qed.

(** The removal of a tree ends: on a mount in use the loop over the stack of
    directories returns, whatever the tree. *)
Theorem remove_tree_terminates os ps s path m rel root : reach os ps s -> match_mount path = Some (m, rel) -> mounted m root s ->
  exists s' r, remove_tree path s = Some (s', r).
Proof.
  intros H%reach_good M Mr. pose proof (remove_tree_spec H path) as HW. unfold wp in HW.
  destruct (remove_tree path s) as [[s' r]|]; [eauto|]. destruct HW as (m' & rel' & M' & Hno). exfalso.
  assert (m' = m) as -> by congruence. by apply (Hno root).
Qed.

(** ** Quotas *)

(** C32. The limit of a mount bounds what is stored in it, in any history of
    calls: a call that does not set a limit leaves the bytes of the files and
    attributes of a mount at most where they were, or within the limit; and
    what is stored never exceeds what the mount is charged for. *)
Theorem tmpfs_quota s c s' r m mt limit : history source_read s -> sets_limit c = false -> run source_read c s = Some (s', r) ->
  SCRATCH_MOUNTS !! m = Some mt -> byte_limits s !! m = Some (Some limit) -> 0 <= limit ->
  byte_limits s' = byte_limits s /\ used (tab s') (m_dev mt) <= Z.max (used (tab s) (m_dev mt)) limit
  /\ exists charge, mount_bytes s' !! m = Some charge /\ used (tab s') (m_dev mt) <= charge.
Proof.
  intros (Hs & x & Hx)%history_sound Hc E Hm Hl H0. destruct (charged_run source_read c s s' r E x Hs Hx) as (_ & x' & Hx' & Hle).
  pose proof (along_every_run (R := within) source_read c Hc s s' r E) as (E1 & _ & E3).
  assert (forall x s, slack x s -> mount_bytes s !! m = Some (used (tab s) (m_dev mt) + x (m_dev mt))) as Hacc.
  { intros y s0 [_ ->]. by rewrite list_lookup_fmap, Hm. }
  pose proof (E3 m _ _ limit (Hacc x s Hx) (Hacc x' s' Hx') Hl H0) as Hmax. pose proof (proj1 Hx' (m_dev mt)). pose proof (Hle (m_dev mt)).
  split; [done|]. split; [lia|]. exists (used (tab s') (m_dev mt) + x' (m_dev mt)). split; [by apply Hacc|lia].
Qed.

(** ** Listings *)

(** C33. A listing is exact. What [getdents64] writes reads back as the entries of
    the directory with a position from the offset to the returned cookie, each
    once and in the order of their positions; at the end of the directory no
    entry is left, before it at least one was returned. *)
Theorem listing_is_exact os ps s path buf offset s' buf' pos next eof : reach os ps s ->
  getdents64 path buf offset s = Some (s', Ok (buf', pos, next, eof)) ->
  exists d n e, walk_path path s = Some (s', Ok d) /\ get s' d = Some n /\ kind n = Dir e /\
    (no_nul e -> exists listed, parse_dirents pos (take pos buf') = Some listed /\ increasing listed
       /\ (forall p name, In (p, name) listed <-> entry_at e p name /\ offset <= p < next)
       /\ if eof then forall p name, entry_at e p name -> p < next else listed <> []).
Proof.
  intros H%reach_good E. destruct (getdents_spec H path buf offset s' buf' pos next eof E) as (d & n & e & H1 & H2 & H3 & H4 & _ & H5).
  by exists d, n, e.
Qed.

(** The directory [d] has the entry [name] with cookie [ck]. *)
Definition has_entry (s : TmpfsState) (d : nat) (name : list Z) (ck : Z) : Prop :=
  exists n e, get s d = Some n /\ kind n = Dir e /\ no_nul e /\ by_cookie e !! ck = Some name.
Definition times (name : list Z) (listed : list Entry) : nat := length (List.filter (fun x => bool_decide (snd x = name)) listed).

(** A scan of the directory: listings in any reachable states, each from where
    the last one ended, up to the end of the directory, while the entry is
    there; [count] is how often it is returned. *)
Inductive scan (d : nat) (name : list Z) (ck : Z) : Z -> nat -> Prop :=
  | scan_last os ps s path size offset listed next : reach os ps s -> has_entry s d name ck ->
      listing s path size offset d listed next true -> scan d name ck offset (times name listed)
  | scan_more os ps s path size offset listed next count : reach os ps s -> has_entry s d name ck ->
      listing s path size offset d listed next false -> scan d name ck next count -> scan d name ck offset (times name listed + count).

Lemma times_zero name (listed : list Entry) : (forall p, ~ In (p, name) listed) -> times name listed = 0%nat.
Proof.
  unfold times. induction listed as [|[p n] l IH]; intros Hin; [done|]. cbn. rewrite bool_decide_eq_false_2.
  - apply IH. intros q Hq. apply (Hin q). by right.
  - intros E. cbn in E. apply (Hin p). left. by rewrite E.
Qed.
Lemma times_one name c (listed : list Entry) : increasing listed -> (forall p, In (p, name) listed <-> p = c) -> times name listed = 1%nat.
Proof.
  intros Hs. induction Hs as [|[p n] l Hl IH Hp]; intros Hin; [by destruct (proj2 (Hin c))|]. rewrite List.Forall_forall in Hp.
  unfold times in *. cbn. case_bool_decide as En; cbn in En.
  - assert (p = c) as -> by (apply Hin; left; by rewrite En). cbn. f_equal. apply times_zero. intros q Hq.
    assert (q = c) as -> by (apply Hin; by right). specialize (Hp _ Hq). cbn in Hp. lia.
  - apply IH. intros q. rewrite <- Hin. cbn. split; [auto|]. intros [E|?]; [|done]. injection E as _ E. done.
Qed.

Lemma listing_times {os ps s} (H : good os ps s) d name ck path size offset listed next eof : name <> [dot] -> name <> [dot; dot] ->
  has_entry s d name ck -> listing s path size offset d listed next eof ->
  times name listed = (if decide (offset <= ck + 2 < next) then 1%nat else 0%nat) /\ if eof then ck + 2 < next else offset < next.
Proof.
  intros Hn1 Hn2 (n & e & Hd & Hk & Hz & Hck) (s' & buf & buf' & pos & _ & E & Ew & Ep).
  destruct (getdents_spec H path buf offset s' buf' pos next eof E) as (d' & n' & e' & Ew' & G' & Hd' & Hk' & _ & Hl).
  assert (d' = d) as -> by congruence.
  assert (get s' d = Some n) as Hds.
  { pose proof (wp_run _ _ _ _ _ _ (walk_path_spec H path) Ew) as (_ & X & _). rewrite <- tab_get in Hd |- *. by apply (x_tab _ _ X). }
  assert (n' = n) as -> by congruence. assert (e' = e) as -> by congruence. destruct (Hl Hz) as (l & El & Hs & Hin & Heof).
  assert (l = listed) as -> by congruence. rewrite <- tab_get in Hds.
  destruct (f_dir _ _ _ _ _ _ _ _ (holds_fs G') d n e Hds Hk) as ((O1 & O2 & _) & _).
  assert (forall p, entry_at e p name <-> p = ck + 2) as Hat.
  { intros p. split.
    - intros [[_ ?]|[[_ ?]|[Hp Hb]]]; [done..|]. apply O1 in Hb as [i Hi]. apply O1 in Hck as [j Hj]. rewrite Hi in Hj. injection Hj as _ Hj. lia.
    - intros ->. right. right. pose proof (O2 _ _ Hck). split; [lia|]. by replace (ck + 2 - 2) with ck by lia. }
  split.
  - case_decide as Hc.
    + apply (times_one name (ck + 2)); [done|]. intros p. rewrite Hin, Hat. split; [tauto|]. intros ->. done.
    + apply times_zero. intros p [Hp1 Hp2]%Hin. apply Hat in Hp1 as ->. done.
  - destruct eof; [apply (Heof _ name), Hat; done|]. destruct listed as [|[p x] listed]; [done|]. destruct (proj1 (Hin p x)) as [_ ?]; [by left|lia].
Qed.

(** C23. A scan returns an entry that is there all the time exactly once, whatever
    other entries come and go between the listings. *)
Theorem scan_returns_entry_once d name ck count : name <> [dot] -> name <> [dot; dot] -> scan d name ck 0 count -> count = 1%nat.
Proof.
  intros Hn1 Hn2. assert (forall offset, scan d name ck offset count -> count = if decide (offset <= ck + 2) then 1%nat else 0%nat) as Hgen.
  { intros offset HS. induction HS as [os ps s path size offset listed next HR%reach_good He Hl|os ps s path size offset listed next count HR%reach_good He Hl _ IH].
    - destruct (listing_times HR d name ck path size offset listed next true Hn1 Hn2 He Hl) as [-> Hlt]. repeat case_decide; lia.
    - destruct (listing_times HR d name ck path size offset listed next false Hn1 Hn2 He Hl) as [-> Hlt]. rewrite IH. repeat case_decide; lia. }
  intros HS. rewrite (Hgen 0 HS). assert (0 <= ck + 2) as Hpos; [|by rewrite decide_True].
  assert (exists os ps s, reach os ps s /\ has_entry s d name ck) as (os & ps & s & HR%reach_good & n & e & Hd & Hk & _ & Hck) by (inversion HS; eauto 10).
  rewrite <- tab_get in Hd. destruct (f_dir _ _ _ _ _ _ _ _ (holds_fs HR) d n e Hd Hk) as ((_ & O2 & _) & _). apply O2 in Hck. lia.
Qed.
End Theorems.

(** ** Instances *)

(** [/tmp/] and a name. *)
Definition tmp (name : list Z) : list Z := [47; 116; 109; 112; 47] ++ name.
Definition O_RDWR_CREAT : Z := 66.

(** The state after calls without renames and added references. *)
Definition after_calls (cs : list Call) : list nat * list nat * TmpfsState :=
  match play no_source cs ([], [], new) with Some st => st | None => ([], [], new) end.
Lemma after_calls_reach cs : forallb free_call cs = true ->
  reach no_source (fst (fst (after_calls cs))) (snd (fst (after_calls cs))) (snd (after_calls cs)).
Proof.
  intros Hf. unfold after_calls. destruct (play no_source cs ([], [], new)) as [[[os ps] s]|] eqn:E; [|apply reach_new].
  by apply (play_reach no_source cs [] [] new os ps s (reach_new no_source)).
Qed.

Lemma after_calls_traced cs : forallb free_call cs = true ->
  traced no_source (fst (fst (after_calls cs))) (snd (fst (after_calls cs))) (snd (after_calls cs)).
Proof.
  intros Hf. unfold after_calls. destruct (play no_source cs ([], [], new)) as [[[os ps] s]|] eqn:E; [|apply traced_new].
  by apply (play_traced no_source cs [] [] new os ps s (traced_new no_source)).
Qed.

(** A file [a], a directory [d] and a file [d/b], both files open. *)
Definition sample : list nat * list nat * TmpfsState :=
  after_calls [COpen (tmp [97]) O_RDWR_CREAT 420 0 0; CMkdir (tmp [100]) 493 0 0; COpen (tmp [100; 47; 98]) O_RDWR_CREAT 420 0 0].
Lemma sample_reach : reach no_source (fst (fst sample)) (snd (fst sample)) (snd sample).
Proof. by apply after_calls_reach. Qed.

Lemma tmpfs_names_and_inodes_witness :
  at_path (snd sample) 0 [[100]; [98]] = Some 3%nat /\ is_Some (get (snd sample) 3) /\ In 3%nat (fst (fst sample)).
Proof.
  split; [vm_compute; reflexivity|]. split; [|vm_compute; auto].
  apply (proj1 (tmpfs_names_and_inodes no_source _ _ _ sample_reach) 0%nat [[100]; [98]] 3%nat). vm_compute. reflexivity.
Defined.

Lemma tmpfs_refines_namespace_witness : exists s' s1 ch, run no_source (CRename (tmp [100]) (tmp [101])) (snd sample) = Some (s', Ok Done)
  /\ effect (CRename (tmp [100]) (tmp [101])) (at_path s1) ch /\ (forall m q, at_path s' m q = changed ch (at_path s1) m q)
  /\ at_path s' 0 [[101]; [98]] = Some 3%nat.
Proof.
  assert (exists s', run no_source (CRename (tmp [100]) (tmp [101])) (snd sample) = Some (s', Ok Done) /\ at_path s' 0 [[101]; [98]] = Some 3%nat)
    as (s' & E & F) by (eexists; split; vm_compute; reflexivity).
  destruct (tmpfs_refines_namespace no_source _ _ _ (CRename (tmp [100]) (tmp [101])) s' (Ok Done) sample_reach) as (s1 & ch & _ & He & Hc).
  - split; [exists [[116; 109; 112]; [100]]|split; [exists [[116; 109; 112]; [101]]|]].
    + split; [|reflexivity]. intros c [<-|[<-|[]]]; vm_compute; intuition; discriminate.
    + split; [|reflexivity]. intros c [<-|[<-|[]]]; vm_compute; intuition; discriminate.
    + intros s1 i n Hw. exfalso. vm_compute in Hw. discriminate.
  - exact E.
  - exists s', s1, ch. split; [exact E|]. split; [exact He|]. split; [exact Hc|exact F].
Defined.

(** The file [a], which is open, is replaced by a rename although it has
    another name. *)
Definition linked : list nat * list nat * TmpfsState :=
  after_calls [COpen (tmp [97]) O_RDWR_CREAT 420 0 0; CLink (tmp [97]) (tmp [98]); COpen (tmp [99]) O_RDWR_CREAT 420 0 0].
Lemma linked_traced : traced no_source (fst (fst linked)) (snd (fst linked)) (snd linked).
Proof. by apply after_calls_traced. Qed.
Lemma open_file_outlives_its_names_witness : exists s' n l, run no_source (CRename (tmp [99]) (tmp [97])) (snd linked) = Some (s', Ok Done)
  /\ nlink n = 2 /\ get (snd linked) 1 = Some n /\ get s' 1 = Some (with_nlink n l).
Proof.
  assert (exists s', run no_source (CRename (tmp [99]) (tmp [97])) (snd linked) = Some (s', Ok Done)) as (s' & E) by (eexists; vm_compute; reflexivity).
  assert (exists n, get (snd linked) 1 = Some n /\ nlink n = 2) as (n & Hn & H2) by (eexists; split; vm_compute; reflexivity).
  destruct (open_file_outlives_its_names no_source _ _ _ (CRename (tmp [99]) (tmp [97])) s' (Ok Done) 1%nat linked_traced eq_refl E) as (n1 & l & H1 & _ & Hl).
  - left. vm_compute. auto.
  - assert (Some n1 = Some n) as En by (rewrite <- H1; exact Hn). injection En as ->. exists s', n, l. split; [exact E|]. split; [exact H2|]. split; [exact Hn|exact Hl].
Defined.

Definition handle_a : Z := inode_to_file_handle 1.
Lemma write_then_read_witness : exists s' after, write true handle_a 2 [120; 121] (snd sample) = Some (s', Ok 2)
  /\ read no_source handle_a 1 2 s' = Some (s', Ok (read_bytes after 1 2)) /\ after !! 1%nat = Some 0 /\ after !! 2%nat = Some 120.
Proof.
  assert (exists s', write true handle_a 2 [120; 121] (snd sample) = Some (s', Ok 2)) as (s' & E) by (eexists; vm_compute; reflexivity).
  destruct (write_then_read no_source _ _ _ true handle_a 2 [120; 121] s' 2 sample_reach E ltac:(lia)) as (_ & before & after & Hb & Ha & Hl & _).
  exists s', after. split; [exact E|]. split; [apply (Ha 1 2%nat); lia|]. rewrite !Hl.
  assert (before = []) as ->.
  { specialize (Hb 0 1%nat ltac:(lia)). vm_compute in Hb. destruct before as [|b before]; [reflexivity|discriminate]. }
  split; reflexivity.
Defined.

Lemma failed_write_changes_nothing_witness : exists s', write false handle_a 2 [120; 121] (snd sample) = Some (s', Err ENOSPC) /\ s' = snd sample.
Proof.
  assert (exists s', write false handle_a 2 [120; 121] (snd sample) = Some (s', Err ENOSPC)) as (s' & E) by (eexists; vm_compute; reflexivity).
  exists s'. split; [exact E|]. apply (failed_write_changes_nothing no_source _ _ _ false handle_a 2 [120; 121] s' ENOSPC sample_reach E).
Defined.

Lemma remove_tree_terminates_witness : exists s' r, remove_tree (tmp [100]) (snd sample) = Some (s', r).
Proof.
  apply (remove_tree_terminates no_source _ _ _ (tmp [100]) 0%nat [47; 100] 0%nat sample_reach); vm_compute; reflexivity.
Defined.

(** A file in the exchange, whose mount has a limit. *)
Definition exchange_file : list Z := MOUNT_PATH ++ [47; 105; 110; 98; 111; 120; 47; 102].
Definition exchanged : list nat * list nat * TmpfsState := after_calls [COpen exchange_file O_RDWR_CREAT 420 0 0].
Lemma tmpfs_quota_witness : exists s' h mt, run no_source (CWrite true h 0 [1; 2; 3]) (snd exchanged) = Some (s', Ok Done)
  /\ SCRATCH_MOUNTS !! 3%nat = Some mt /\ used (tab s') (m_dev mt) = 3
  /\ used (tab s') (m_dev mt) <= Z.max (used (tab (snd exchanged)) (m_dev mt)) DEFAULT_BYTE_LIMIT.
Proof.
  assert (exists s' mt, run no_source (CWrite true (inode_to_file_handle 6) 0 [1; 2; 3]) (snd exchanged) = Some (s', Ok Done)
    /\ SCRATCH_MOUNTS !! 3%nat = Some mt /\ used (tab s') (m_dev mt) = 3) as (s' & mt & E & Hm & Hu) by (eexists _, _; split; [|split]; vm_compute; reflexivity).
  exists s', (inode_to_file_handle 6), mt. split; [exact E|]. split; [exact Hm|]. split; [exact Hu|].
  refine (proj1 (proj2 (tmpfs_quota no_source _ (CWrite true (inode_to_file_handle 6) 0 [1; 2; 3]) s' (Ok Done) 3 mt DEFAULT_BYTE_LIMIT
    (traced_history _ _ _ _ (after_calls_traced _ _)) eq_refl E Hm _ _))); vm_compute; first [reflexivity | discriminate].
Defined.

Definition slash_tmp : list Z := [47; 116; 109; 112].
Lemma no_nul_bytes e : forallb (fun kv : Z * list Z => forallb (fun b => negb (b =? 0)) (snd kv)) (map_to_list (by_cookie e)) = true -> no_nul e.
Proof.
  intros Hf ck name Hn Hin. rewrite forallb_forall in Hf. specialize (Hf (ck, name)). cbn in Hf.
  rewrite forallb_forall in Hf. specialize (Hf ltac:(apply list_elem_of_In, elem_of_map_to_list; exact Hn) 0 Hin). discriminate.
Qed.

Lemma ok_inj {A B} (a a' : A) (b b' : B) : Some (a, Ok b) = Some (a', Ok b') -> a = a' /\ b = b'.
Proof. intros E. by injection E. Qed.

Lemma listing_is_exact_witness : exists buf' pos next eof s' d n e, getdents64 slash_tmp (replicate 72 0) 0 (snd sample) = Some (s', Ok (buf', pos, next, eof))
  /\ get s' d = Some n /\ kind n = Dir e /\ next = 3 /\ eof = false /\ exists listed, parse_dirents pos (take pos buf') = Some listed
  /\ forall p name, In (p, name) listed <-> entry_at e p name /\ 0 <= p < 3.
Proof.
  assert (exists s' buf' pos, getdents64 slash_tmp (replicate 72 0) 0 (snd sample) = Some (s', Ok (buf', pos, 3, false))) as (s' & buf' & pos & E)
    by (eexists _, _, _; vm_compute; reflexivity).
  destruct (listing_is_exact no_source _ _ _ slash_tmp (replicate 72 0) 0 s' buf' pos 3 false sample_reach E) as (d & n & e & Hw & Hd & Hk & Hl).
  exists buf', pos, 3, false, s', d, n, e. repeat (split; [first [exact E | exact Hd | exact Hk | reflexivity]|]).
  destruct Hl as (listed & Hp & _ & Hin & _).
  - apply no_nul_bytes. assert (walk_path slash_tmp (snd sample) = Some (snd sample, Ok 0%nat)) as Ew by (vm_compute; reflexivity).
    destruct (ok_inj _ _ _ _ (eq_trans (eq_sym Hw) Ew)) as [Es Ed]. rewrite Es, Ed in Hd.
    assert (exists n0 e0, get (snd sample) 0 = Some n0 /\ kind n0 = Dir e0
      /\ forallb (fun kv : Z * list Z => forallb (fun b => negb (b =? 0)) (snd kv)) (map_to_list (by_cookie e0)) = true) as (n0 & e0 & H1 & H2 & H3)
      by (eexists _, _; split; [|split]; vm_compute; reflexivity).
    rewrite H1 in Hd. injection Hd as Hn. rewrite <- Hn, H2 in Hk. injection Hk as He. rewrite <- He. exact H3.
  - exists listed. split; [exact Hp|exact Hin].
Defined.

Lemma sample_entry s name ck : (exists n e, get s 0 = Some n /\ kind n = Dir e /\ by_cookie e !! ck = Some name
    /\ forallb (fun kv : Z * list Z => forallb (fun b => negb (b =? 0)) (snd kv)) (map_to_list (by_cookie e)) = true) -> has_entry s 0 name ck.
Proof. intros (n & e & H1 & H2 & H3 & H4). exists n, e. split; [exact H1|]. split; [exact H2|]. split; [by apply no_nul_bytes|exact H3]. Qed.

(** The file [a] is returned once although another one is created after the
    first listing. *)
Lemma scan_returns_entry_once_witness : exists count, scan no_source 0 [97] 0 0 count /\ count = 1%nat.
Proof.
  assert (exists c, scan no_source 0 [97] 0 0 c) as (c & HS).
  { eexists. eapply (scan_more no_source 0 [97] 0 _ _ _ slash_tmp 48 0 [(0, [dot]); (1, [dot; dot])] 2 _ sample_reach).
    - apply sample_entry. eexists _, _. split; [|split; [|split]]; vm_compute; reflexivity.
    - eexists _, (replicate 48 0), _, _. split; [reflexivity|]. split; [|split]; vm_compute; reflexivity.
    - eapply (scan_last no_source 0 [97] 0 _ _ _ slash_tmp 200 2 _ _
        (after_calls_reach [COpen (tmp [97]) O_RDWR_CREAT 420 0 0; CMkdir (tmp [100]) 493 0 0; CMkdir (tmp [99]) 493 0 0] eq_refl)).
      + apply sample_entry. eexists _, _. split; [|split; [|split]]; vm_compute; reflexivity.
      + eexists _, (replicate 200 0), _, _. split; [reflexivity|]. split; [|split]; vm_compute; reflexivity. }
  exists c. split; [exact HS|]. apply (scan_returns_entry_once no_source 0 [97] 0 c); [discriminate|discriminate|exact HS].
Defined.

(** ** Cases the code does not handle *)

(** A rename that replaces a file with another name frees it although the other
    name stays: the name then leads to the next file that is created. *)
Example rename_over_hard_link_dangles :
  match play no_source [COpen (tmp [97]) O_RDWR_CREAT 420 0 0; CRelease handle_a; CLink (tmp [97]) (tmp [98]); COpen (tmp [99]) O_RDWR_CREAT 420 0 0;
                        CRename (tmp [99]) (tmp [98])] ([], [], new) with
  | Some (_, _, s) =>
      at_path s 0 [[97]] = Some 1%nat /\ get s 1 = None
      /\ match open (tmp [100]) O_RDWR_CREAT 420 0 0 s with
         | Some (s', Ok h) => handle_inode h = Some 1%nat /\ at_path s' 0 [[97]] = Some 1%nat
         | _ => False
         end
  | None => False
  end.
Proof. vm_compute. repeat split. Qed.

(** An offset of 2^32 is cut to 32 bits: the write goes to the first byte. *)
Example offset_wraps_at_4_gib :
  match write true handle_a (2 ^ 32) [120] (snd sample) with
  | Some (s', Ok _) => read no_source handle_a 0 4 s' = Some (s', Ok [120])
  | _ => False
  end.
Proof. vm_compute. reflexivity. Qed.

(** A truncation that cannot grow the file fails, and the mount stays charged
    for the bytes. *)
Example refused_growth_stays_charged :
  match truncate_handle false handle_a 100 (snd sample) with
  | Some (s', Err EFBIG) => mount_bytes s' !! 0%nat = Some 100 /\ used (tab s') (TMPFS_DEV_BASE) = 0
  | _ => False
  end.
Proof. vm_compute. repeat split. Qed.
