(* ===== verification/Mqueue.v ===== *)
(** * POSIX message queues (crates/runtime-core/src/mqueue.rs)

    Named queues of prioritised messages. A queue object has an identity of
    its own, so that it can outlive its name (mq_unlink) and the descriptor of
    a blocked operation (a pin). The table is the record [MqueueTable];
    reservations of memory are the boolean arguments of the operations that
    make them. *)

From S2P Require Import Prelude.

Definition O_RDONLY : Z := 0.
Definition O_WRONLY : Z := 1.
Definition O_ACCMODE : Z := 3.
Definition O_CREAT : Z := 64.
Definition O_EXCL : Z := 128.
Definition O_NONBLOCK : Z := 2048.
Definition O_LARGEFILE : Z := 32768.
Definition SIGEV_SIGNAL : Z := 0.
Definition SIGEV_NONE : Z := 1.
Definition DEFAULT_MAXMSG : Z := 10.
Definition DEFAULT_MSGSIZE : Z := 8192.
Definition MQD_BASE : Z := 1073741824.
Definition MQD_MAX : Z := i32_max.
(** [platform_limits] and [signal::NSIG] of crates/shared. *)
Definition NAME_MAX_BYTES : Z := 256.
Definition MAX_REPORTABLE_TRANSFER_BYTES : Z := i32_max.
Definition NSIG : Z := 65.

Record MqMessage : Type := mkMessage { data : list Z; priority : Z }.

Record MqNotification : Type := mkNotification { pid : Z; signo : Z; value_bits : Z }.

Record MqQueue : Type := mkQueue {
  maxmsg : Z;
  msgsize : Z;
  messages : list MqMessage;
  linked : bool;
  open_count : Z;
  active_pins : Z;
  notification : option MqNotification;
  mode : Z;
}.

Record MqDescriptor : Type := mkDescriptor {
  queue_id : Z;
  access_mode : Z;
  nonblock : bool;
}.

(** The capability of one blocked operation. *)
Record PinnedMqueueDescriptor : Type := mkPinned {
  pin_id : Z;
  pinned_descriptor : MqDescriptor;
}.

Inductive MqDescriptorAuthority : Type :=
  | Public (mqd : Z)
  | Pinned (pinned : PinnedMqueueDescriptor).

Record MqAttr : Type := mkAttr {
  attr_flags : Z; attr_maxmsg : Z; attr_msgsize : Z; attr_curmsgs : Z;
}.

Record MqueueTable : Type := mkTable {
  names : gmap (list Z) Z;
  queues : gmap Z MqQueue;
  descriptors : gmap Z MqDescriptor;
  pins : gmap Z Z;
  next_queue_id : option Z;
  next_mqd : option Z;
  next_pin_id : option Z;
  pending_notification : option MqNotification;
}.

Definition new : MqueueTable := mkTable ∅ ∅ ∅ ∅ (Some 1) (Some MQD_BASE) (Some 1) None.

(** ** Field updates *)

Definition set_queues (t : MqueueTable) (qs : gmap Z MqQueue) : MqueueTable :=
  mkTable (names t) qs (descriptors t) (pins t) (next_queue_id t) (next_mqd t) (next_pin_id t)
    (pending_notification t).
Definition set_descriptors (t : MqueueTable) (ds : gmap Z MqDescriptor) : MqueueTable :=
  mkTable (names t) (queues t) ds (pins t) (next_queue_id t) (next_mqd t) (next_pin_id t)
    (pending_notification t).
Definition set_pins (t : MqueueTable) (ps : gmap Z Z) (next : option Z) : MqueueTable :=
  mkTable (names t) (queues t) (descriptors t) ps (next_queue_id t) (next_mqd t) next
    (pending_notification t).
Definition set_names (t : MqueueTable) (ns : gmap (list Z) Z) : MqueueTable :=
  mkTable ns (queues t) (descriptors t) (pins t) (next_queue_id t) (next_mqd t) (next_pin_id t)
    (pending_notification t).
Definition set_queue (t : MqueueTable) (id : Z) (q : MqQueue) : MqueueTable :=
  set_queues t (<[id := q]> (queues t)).

Definition with_messages (q : MqQueue) (ms : list MqMessage) (n : option MqNotification) : MqQueue :=
  mkQueue (maxmsg q) (msgsize q) ms (linked q) (open_count q) (active_pins q) n (mode q).
Definition with_counts (q : MqQueue) (l : bool) (o p : Z) : MqQueue :=
  mkQueue (maxmsg q) (msgsize q) (messages q) l o p (notification q) (mode q).

(** ** Operations *)

Definition set_pending_notification (t : MqueueTable) (n : MqNotification) : MqueueTable :=
  mkTable (names t) (queues t) (descriptors t) (pins t) (next_queue_id t) (next_mqd t)
    (next_pin_id t) (Some n).

Definition take_pending_notification (t : MqueueTable) : MqueueTable * option MqNotification :=
  (mkTable (names t) (queues t) (descriptors t) (pins t) (next_queue_id t) (next_mqd t)
     (next_pin_id t) None, pending_notification t).

(** [candidate.checked_add(1).filter(|value| *value <= max)]. *)
Definition next_id (max candidate : Z) : option Z :=
  if candidate + 1 <=? max then Some (candidate + 1) else None.

Definition next_free_mqd (t : MqueueTable) : result (Z * option Z) :=
  let? candidate := ok_or (next_mqd t) EMFILE in
  if negb ((MQD_BASE <=? candidate) && (candidate <=? MQD_MAX)) then Err EIO
  else
    let? mqd := scan_free (descriptors t) MQD_MAX EMFILE (S (size (descriptors t))) candidate in
    Ok (mqd, next_id MQD_MAX mqd).

Definition next_free_queue_id (t : MqueueTable) : result (Z * option Z) :=
  let? candidate := ok_or (next_queue_id t) ENFILE in
  if candidate =? 0 then Err EIO
  else
    let? id := scan_free (queues t) u64_max ENFILE (S (size (queues t))) candidate in
    Ok (id, next_id u64_max id).

Definition next_free_pin_id (t : MqueueTable) : result (Z * option Z) :=
  let? candidate := ok_or (next_pin_id t) EOVERFLOW in
  if candidate =? 0 then Err EIO
  else
    let? id := scan_free (pins t) u64_max EOVERFLOW (S (size (pins t))) candidate in
    Ok (id, next_id u64_max id).

Definition resolve_descriptor (t : MqueueTable) (a : MqDescriptorAuthority) : result MqDescriptor :=
  match a with
  | Public mqd => ok_or (descriptors t !! mqd) EBADF
  | Pinned p =>
      if bool_decide (pins t !! pin_id p = Some (queue_id (pinned_descriptor p)))
      then Ok (pinned_descriptor p) else Err EBADF
  end.

Definition reclaim_queue_if_unused (t : MqueueTable) (id : Z) : MqueueTable :=
  match queues t !! id with
  | Some q =>
      if negb (linked q) && (open_count q =? 0) && (active_pins q =? 0)
      then set_queues t (delete id (queues t)) else t
  | None => t
  end.

Definition is_mqd (t : MqueueTable) (fd : Z) : bool := bool_decide (is_Some (descriptors t !! fd)).

Definition is_nonblock (t : MqueueTable) (mqd : Z) : option bool :=
  match resolve_descriptor t (Public mqd) with Ok d => Some (nonblock d) | Err _ => None end.

Definition pinned_is_nonblock (t : MqueueTable) (p : PinnedMqueueDescriptor) : result bool :=
  let? d := resolve_descriptor t (Pinned p) in Ok (nonblock d).

Definition descriptor_msgsize_for (t : MqueueTable) (a : MqDescriptorAuthority) : result Z :=
  let? d := resolve_descriptor t a in
  ok_or (option_map msgsize (queues t !! queue_id d)) EBADF.

Definition pin_descriptor (t : MqueueTable) (admitted : bool) (mqd : Z)
    : MqueueTable * result PinnedMqueueDescriptor :=
  let? d := resolve_descriptor t (Public mqd) orelse t in
  let? (id, next) := next_free_pin_id t orelse t in
  let? _ := prepare_io (pins t) admitted id orelse t in
  let? q := ok_or (queues t !! queue_id d) EBADF orelse t in
  let? n := ok_or (checked_add u32_max (active_pins q) 1) EOVERFLOW orelse t in
  let t := set_queue t (queue_id d) (with_counts q (linked q) (open_count q) n) in
  (set_pins t (<[id := queue_id d]> (pins t)) next, Ok (mkPinned id d)).

Definition release_pinned_descriptor (t : MqueueTable) (p : PinnedMqueueDescriptor)
    : MqueueTable * result unit :=
  let id := queue_id (pinned_descriptor p) in
  if negb (bool_decide (pins t !! pin_id p = Some id)) then (t, Err EBADF)
  else
    let? q := ok_or (queues t !! id) EIO orelse t in
    let? n := ok_or (checked_sub (active_pins q) 1) EIO orelse t in
    let t := set_queue t id (with_counts q (linked q) (open_count q) n) in
    let t := set_pins t (delete (pin_id p) (pins t)) (next_pin_id t) in
    (reclaim_queue_if_unused t id, Ok tt).

(** Outcomes of the three reservations of [mq_open]. *)
Record OpenMemory : Type := mkOpenMemory {
  mem_descriptor : bool; mem_queue : bool; mem_name : bool;
}.

Definition mq_open (t : MqueueTable) (mem : OpenMemory) (name : list Z) (flags0 mode maxmsg0 msgsize0 : Z)
    (has_attr : bool) : MqueueTable * result Z :=
  let flags := Z.ldiff flags0 O_LARGEFILE in
  let access := Z.land flags O_ACCMODE in
  let creating := has_flag flags O_CREAT in
  let exclusive := has_flag flags O_EXCL in
  let nb := has_flag flags O_NONBLOCK in
  if bool_decide (name = []) then (t, Err EINVAL)
  else if NAME_MAX_BYTES <=? lenZ name then (t, Err ENAMETOOLONG)
  else
    let existing := names t !! name in
    let exists_ := bool_decide (is_Some existing) in
    if creating && exclusive && exists_ then (t, Err EEXIST)
    else if negb creating && negb exists_ then (t, Err ENOENT)
    else
      let max := if has_attr then maxmsg0 else DEFAULT_MAXMSG in
      let sz := if has_attr then msgsize0 else DEFAULT_MSGSIZE in
      if negb exists_ && ((max =? 0) || (sz =? 0)) then (t, Err EINVAL)
      else if negb exists_ && (MAX_REPORTABLE_TRANSFER_BYTES <? sz) then (t, Err EINVAL)
      else
        let? (mqd, next_mqd') := next_free_mqd t orelse t in
        match existing with
        | Some id =>
            let? _ := prepare_io (descriptors t) (mem_descriptor mem) mqd orelse t in
            let? q := ok_or (queues t !! id) EIO orelse t in
            let? n := ok_or (checked_add u32_max (open_count q) 1) EMFILE orelse t in
            (mkTable (names t) (<[id := with_counts q (linked q) n (active_pins q)]> (queues t))
               (<[mqd := mkDescriptor id access nb]> (descriptors t)) (pins t) (next_queue_id t)
               next_mqd' (next_pin_id t) (pending_notification t), Ok mqd)
        | None =>
            let? (id, next_queue_id') := next_free_queue_id t orelse t in
            let? _ := prepare_io (descriptors t) (mem_descriptor mem) mqd orelse t in
            let? _ := prepare_io (queues t) (mem_queue mem) id orelse t in
            if negb (mem_name mem) then (t, Err ENOMEM)
            else
              (mkTable (<[name := id]> (names t))
                 (<[id := mkQueue max sz [] true 1 0 None mode]> (queues t))
                 (<[mqd := mkDescriptor id access nb]> (descriptors t)) (pins t) next_queue_id'
                 next_mqd' (next_pin_id t) (pending_notification t), Ok mqd)
        end.

Definition mq_close (t : MqueueTable) (mqd : Z) : MqueueTable * result unit :=
  let? d := ok_or (descriptors t !! mqd) EBADF orelse t in
  let? q := ok_or (queues t !! queue_id d) EIO orelse t in
  let? n := ok_or (checked_sub (open_count q) 1) EIO orelse t in
  let t := set_queue t (queue_id d) (with_counts q (linked q) n (active_pins q)) in
  let t := set_descriptors t (delete mqd (descriptors t)) in
  (reclaim_queue_if_unused t (queue_id d), Ok tt).

Definition mq_unlink (t : MqueueTable) (name : list Z) : MqueueTable * result unit :=
  let? id := ok_or (names t !! name) ENOENT orelse t in
  let t := set_names t (delete name (names t)) in
  let? q := ok_or (queues t !! id) EIO orelse t in
  let t := set_queue t id (with_counts q false (open_count q) (active_pins q)) in
  (reclaim_queue_if_unused t id, Ok tt).

(** Insertion that keeps the order: before the first message of lower
    priority. *)
Definition insert_message (m : MqMessage) (ms : list MqMessage) : list MqMessage :=
  match position (fun m' => priority m' <? priority m) ms with
  | Some i => insert_at i m ms
  | None => ms ++ [m]
  end.

(** [mq_send_for_with_reserve] behind [mq_send] and [mq_send_pinned]; the
    result is the notification to deliver. *)
Definition mq_send_for (t : MqueueTable) (a : MqDescriptorAuthority) (mem_message mem_slot : bool)
    (bytes : list Z) (prio : Z) : MqueueTable * result (option MqNotification) :=
  let? d := resolve_descriptor t a orelse t in
  if access_mode d =? O_RDONLY then (t, Err EBADF)
  else
    let? q := ok_or (queues t !! queue_id d) EBADF orelse t in
    if msgsize q <? lenZ bytes then (t, Err EMSGSIZE)
    else if maxmsg q <=? lenZ (messages q) then (t, Err EAGAIN)
    else if negb mem_message then (t, Err ENOMEM)
    else if negb mem_slot then (t, Err ENOMEM)
    else
      let was_empty := bool_decide (messages q = []) in
      let ms := insert_message (mkMessage bytes prio) (messages q) in
      (set_queue t (queue_id d)
         (with_messages q ms (if was_empty then None else notification q)),
       Ok (if was_empty then notification q else None)).

Definition mq_send t mqd := mq_send_for t (Public mqd).
Definition mq_send_pinned t p := mq_send_for t (Pinned p).

Definition mq_receive_for (t : MqueueTable) (a : MqDescriptorAuthority) (buf_size : Z)
    : MqueueTable * result MqMessage :=
  let? d := resolve_descriptor t a orelse t in
  if access_mode d =? O_WRONLY then (t, Err EBADF)
  else
    let? q := ok_or (queues t !! queue_id d) EBADF orelse t in
    if buf_size <? msgsize q then (t, Err EMSGSIZE)
    else match messages q with
         | [] => (t, Err EAGAIN)
         | m :: ms => (set_queue t (queue_id d) (with_messages q ms (notification q)), Ok m)
         end.

Definition mq_receive t mqd := mq_receive_for t (Public mqd).
Definition mq_receive_pinned t p := mq_receive_for t (Pinned p).

Definition mq_notify (t : MqueueTable) (mqd pid : Z) (sigev_notify : option Z) (signo value_bits : Z)
    : MqueueTable * result unit :=
  let? d := ok_or (descriptors t !! mqd) EBADF orelse t in
  let? q := ok_or (queues t !! queue_id d) EBADF orelse t in
  let register s := set_queue t (queue_id d)
    (with_messages q (messages q) (Some (mkNotification pid s value_bits))) in
  let busy := bool_decide (is_Some (notification q)) in
  match sigev_notify with
  | None => (set_queue t (queue_id d) (with_messages q (messages q) None), Ok tt)
  | Some kind =>
      if kind =? SIGEV_NONE then
        if busy then (t, Err EBUSY) else (register 0, Ok tt)
      else if kind =? SIGEV_SIGNAL then
        if (signo =? 0) || (NSIG <=? signo) then (t, Err EINVAL)
        else if busy then (t, Err EBUSY) else (register signo, Ok tt)
      else (t, Err EINVAL)
  end.

Definition mq_getsetattr (t : MqueueTable) (mqd : Z) (new_flags : option Z)
    : MqueueTable * result MqAttr :=
  let? d := ok_or (descriptors t !! mqd) EBADF orelse t in
  let? q := ok_or (queues t !! queue_id d) EBADF orelse t in
  let attr := mkAttr (if nonblock d then O_NONBLOCK else 0) (maxmsg q) (msgsize q)
                (as_u32 (lenZ (messages q))) in
  match new_flags with
  | Some flags =>
      (set_descriptors t (<[mqd := mkDescriptor (queue_id d) (access_mode d)
                                     (has_flag flags O_NONBLOCK)]> (descriptors t)), Ok attr)
  | None => (t, Ok attr)
  end.

Definition clear_notification (p : Z) (q : MqQueue) : MqQueue :=
  match notification q with
  | Some n => if pid n =? p then with_messages q (messages q) None else q
  | None => q
  end.

Definition cleanup_process (t : MqueueTable) (p : Z) : MqueueTable :=
  set_queues t (clear_notification p <$> queues t).

(** ** Invariant *)

(** Priorities never increase along the queue and the attributes bound it. *)
Record queue_ok (q : MqQueue) : Prop := {
  q_sorted : StronglySorted (fun a b => priority b <= priority a) (messages q);
  q_length : lenZ (messages q) <= maxmsg q;
  q_sizes : forall m, In m (messages q) -> lenZ (data m) <= msgsize q;
}.

Definition used (q : MqQueue) : Prop := linked q = true \/ 0 < open_count q \/ 0 < active_pins q.

(** Identities still to be given out are above every one in use. *)
Definition fresh_from {A} (m : gmap Z A) (lo max : Z) (next : option Z) : Prop :=
  match next with
  | Some n => lo <= n <= max /\ forall id, is_Some (m !! id) -> id < n
  | None => True
  end.

(** Names, descriptors and pins refer to live queues, and a queue's counters
    are the number of descriptors and pins that refer to it. *)
Record core (t : MqueueTable) : Prop := {
  w_names : forall n id, names t !! n = Some id ->
    exists q, queues t !! id = Some q /\ linked q = true;
  w_names_inj : forall n1 n2 id, names t !! n1 = Some id -> names t !! n2 = Some id -> n1 = n2;
  w_linked : forall id q, queues t !! id = Some q -> linked q = true ->
    exists n, names t !! n = Some id;
  w_desc : forall d x, descriptors t !! d = Some x -> is_Some (queues t !! queue_id x);
  w_pins : forall p id, pins t !! p = Some id -> is_Some (queues t !! id);
  w_open : forall id q, queues t !! id = Some q -> open_count q = refs queue_id (descriptors t) id;
  w_pinned : forall id q, queues t !! id = Some q -> active_pins q = refs (fun x => x) (pins t) id;
  w_queue : forall id q, queues t !! id = Some q -> queue_ok q;
  w_next_queue : fresh_from (queues t) 1 u64_max (next_queue_id t);
  w_next_mqd : fresh_from (descriptors t) MQD_BASE MQD_MAX (next_mqd t);
  w_next_pin : fresh_from (pins t) 1 u64_max (next_pin_id t);
}.

Definition live (t : MqueueTable) (id : Z) : Prop :=
  forall q, queues t !! id = Some q -> used q.

Record wf (t : MqueueTable) : Prop := {
  wf_core : core t;
  wf_live : forall id, live t id;
}.

(** Replacing a queue by one with the same counters. *)
Lemma set_queue_core t id q q' : core t -> queues t !! id = Some q ->
  linked q' = linked q -> open_count q' = open_count q -> active_pins q' = active_pins q ->
  queue_ok q' -> core (set_queue t id q').
Proof.
  intros [H1 H2 H3 H4 H5 H6 H7 H8 H9 H10 H11] Hq El Eo Ep Hok.
  assert (forall id', is_Some (queues t !! id') -> is_Some (<[id := q']> (queues t) !! id')) as Hsome.
  { intros id' Hs. destruct (decide (id' = id)) as [->|]; simplify_map_eq; eauto. }
  split; simpl; auto.
  - intros n id' Hn. destruct (H1 n id' Hn) as (q0 & Hq0 & Hl0).
    destruct (decide (id' = id)) as [->|]; simplify_map_eq; eauto.
  - intros id' q0. destruct (decide (id' = id)) as [->|]; simplify_map_eq.
    + intros [= <-]. rewrite El. by apply H3.
    + by apply H3.
  - intros d x Hd. eauto.
  - intros p id' Hp. eauto.
  - intros id' q0. destruct (decide (id' = id)) as [->|]; simplify_map_eq; [intros [= <-]; rewrite Eo|]; auto.
  - intros id' q0. destruct (decide (id' = id)) as [->|]; simplify_map_eq; [intros [= <-]; rewrite Ep|]; auto.
  - intros id' q0. destruct (decide (id' = id)) as [->|]; simplify_map_eq; [intros [= <-]|]; eauto.
  - unfold fresh_from in *. destruct (next_queue_id t); [|done]. split; [apply H9|].
    intros id' Hs. apply H9. destruct (decide (id' = id)) as [->|]; simplify_map_eq; eauto.
Qed.

Lemma set_queue_wf t id q q' : wf t -> queues t !! id = Some q ->
  linked q' = linked q -> open_count q' = open_count q -> active_pins q' = active_pins q ->
  queue_ok q' -> wf (set_queue t id q').
Proof.
  intros [Hc Hl] Hq E1 E2 E3 Hok. split; [by eapply set_queue_core|].
  intros id' q0 Hq0. simpl in Hq0. destruct (decide (id' = id)) as [->|]; simplify_map_eq.
  - unfold used. rewrite E1, E2, E3. by apply (Hl id).
  - by apply (Hl id').
Qed.

(** A queue nothing refers to can be dropped. *)
Lemma reclaim_wf t id : core t -> (forall id', id' <> id -> live t id') ->
  wf (reclaim_queue_if_unused t id).
Proof.
  intros Hc Hl. unfold reclaim_queue_if_unused. destruct (queues t !! id) as [q|] eqn:Hq.
  2: { split; [done|]. intros id'. destruct (decide (id' = id)) as [->|]; [|auto].
       intros q Hq'. congruence. }
  destruct (_ && _ && _) eqn:E.
  2: { split; [done|]. intros id' q0 Hq0. destruct (decide (id' = id)) as [->|]; [|by apply (Hl id')].
       simplify_eq. pose proof (w_open _ Hc _ _ Hq) as Ho. pose proof (w_pinned _ Hc _ _ Hq) as Hp.
       pose proof (refs_nonneg queue_id (descriptors t) id).
       pose proof (refs_nonneg (fun x => x) (pins t) id). unfold used.
       destruct (linked q); [by left|right]. simpl in E. to_prop. destruct E; to_prop; lia. }
  to_prop. destruct Hc as [W1 W2 W3 W4 W5 W6 W7 W8 W9 W10 W11].
  assert (forall id', is_Some (queues t !! id') -> id' <> id -> is_Some (delete id (queues t) !! id')) as Hsome.
  { intros id' Hs Hne. by rewrite lookup_delete_ne. }
  assert (forall id' q0, delete id (queues t) !! id' = Some q0 -> queues t !! id' = Some q0) as Hdel.
  { intros id' q0 [_ ?]%lookup_delete_Some. done. }
  split; [split; simpl; auto|].
  - intros n id' Hn. destruct (W1 n id' Hn) as (q0 & Hq0 & Hl0). exists q0. split; [|done].
    rewrite lookup_delete_ne; [done|]. intros ->. congruence.
  - eauto.
  - intros d x Hd. apply Hsome; [eauto|]. intros Hid.
    pose proof (refs_pos queue_id _ _ _ Hd). rewrite (W6 _ _ Hq) in *. rewrite Hid in *. lia.
  - intros p id' Hp. apply Hsome; [eauto|]. intros ->.
    pose proof (refs_pos (fun x => x) _ _ _ Hp). rewrite (W7 _ _ Hq) in *. simpl in *. lia.
  - eauto.
  - unfold fresh_from in *. destruct (next_queue_id t); [|done]. split; [apply W9|].
    intros id' [q0 Hs%Hdel]. apply W9. eauto.
  - intros id' q0 Hq0. simpl in Hq0. apply lookup_delete_Some in Hq0 as [Hne Hq0]. by apply (Hl id').
Qed.

(** ** Identities *)

Section Fresh.
Context {A : Type}.
Implicit Types m : gmap Z A.

Lemma fresh_absent m lo max c : fresh_from m lo max (Some c) -> m !! c = None.
Proof. intros [_ H]. destruct (m !! c) eqn:E; [|done]. specialize (H c ltac:(eauto)). lia. Qed.

Lemma fresh_scan m lo max e n c : fresh_from m lo max (Some c) -> scan_free m max e (S n) c = Ok c.
Proof. intros H. cbn [scan_free]. by rewrite bool_decide_eq_true_2 by (by eapply fresh_absent). Qed.

Lemma fresh_insert m lo max c x : fresh_from m lo max (Some c) ->
  fresh_from (<[c := x]> m) lo max (next_id max c).
Proof.
  intros [H1 H2]. unfold next_id. destruct (Z.leb_spec (c + 1) max); [|done]. split; [lia|].
  intros id Hs. destruct (decide (id = c)) as [->|]; [lia|]. rewrite lookup_insert_ne in Hs by done.
  specialize (H2 id Hs). lia.
Qed.

Lemma fresh_subset m m' lo max n : fresh_from m lo max n ->
  (forall id, is_Some (m' !! id) -> is_Some (m !! id)) -> fresh_from m' lo max n.
Proof. unfold fresh_from. destruct n; [|done]. intros [? H] Hs. eauto. Qed.
End Fresh.

Lemma next_free_mqd_spec t mqd next : core t -> next_free_mqd t = Ok (mqd, next) ->
  descriptors t !! mqd = None /\ MQD_BASE <= mqd <= MQD_MAX
  /\ forall x, fresh_from (<[mqd := x]> (descriptors t)) MQD_BASE MQD_MAX next.
Proof.
  intros Hc H. pose proof (w_next_mqd _ Hc) as Hf. unfold next_free_mqd in H.
  destruct (next_mqd t) as [c|]; [|done]. cbn [ok_or] in H. destruct (negb _); [done|].
  rewrite (fresh_scan _ _ _ _ _ _ Hf) in H. simplify_eq.
  split; [by eapply fresh_absent|]. split; [apply Hf|]. intros x. by apply fresh_insert.
Qed.

Lemma next_free_queue_id_spec t id next : core t -> next_free_queue_id t = Ok (id, next) ->
  next_queue_id t = Some id /\ queues t !! id = None
  /\ forall x, fresh_from (<[id := x]> (queues t)) 1 u64_max next.
Proof.
  intros Hc H. pose proof (w_next_queue _ Hc) as Hf. unfold next_free_queue_id in H.
  destruct (next_queue_id t) as [c|]; [|done]. cbn [ok_or] in H. destruct (c =? 0); [done|].
  rewrite (fresh_scan _ _ _ _ _ _ Hf) in H. simplify_eq.
  split; [done|]. split; [by eapply fresh_absent|]. intros x. by apply fresh_insert.
Qed.

Lemma next_free_pin_id_spec t id next : core t -> next_free_pin_id t = Ok (id, next) ->
  pins t !! id = None /\ forall x, fresh_from (<[id := x]> (pins t)) 1 u64_max next.
Proof.
  intros Hc H. pose proof (w_next_pin _ Hc) as Hf. unfold next_free_pin_id in H.
  destruct (next_pin_id t) as [c|]; [|done]. cbn [ok_or] in H. destruct (c =? 0); [done|].
  rewrite (fresh_scan _ _ _ _ _ _ Hf) in H. simplify_eq.
  split; [by eapply fresh_absent|]. intros x. by apply fresh_insert.
Qed.

(** ** Every operation preserves the invariant *)

(** One queue's counters and one reference table change together. *)
Lemma recount_core t t' id q q' :
  core t -> queues t !! id = Some q ->
  names t' = names t -> queues t' = <[id := q']> (queues t) -> next_queue_id t' = next_queue_id t ->
  linked q' = linked q -> queue_ok q' ->
  (forall id', refs queue_id (descriptors t') id'
     = if decide (id' = id) then open_count q' else refs queue_id (descriptors t) id') ->
  (forall id', refs (fun x => x) (pins t') id'
     = if decide (id' = id) then active_pins q' else refs (fun x => x) (pins t) id') ->
  (forall d x, descriptors t' !! d = Some x -> queue_id x = id \/ is_Some (queues t !! queue_id x)) ->
  (forall p x, pins t' !! p = Some x -> x = id \/ is_Some (queues t !! x)) ->
  fresh_from (descriptors t') MQD_BASE MQD_MAX (next_mqd t') ->
  fresh_from (pins t') 1 u64_max (next_pin_id t') -> core t'.
Proof.
  intros Hc Hq Hn Hqs Hnq Hlk Hok Ho Hp Hd Hps Hnd Hnp.
  pose proof Hc as [W1 W2 W3 W4 W5 W6 W7 W8 W9 W10 W11].
  assert (forall id', id' = id \/ is_Some (queues t !! id') -> is_Some (queues t' !! id')) as Hsome.
  { intros id'. rewrite Hqs. destruct (decide (id' = id)) as [->|]; simplify_map_eq; [eauto|tauto]. }
  assert (forall id' q0, queues t' !! id' = Some q0 ->
    (id' = id /\ q0 = q') \/ (id' <> id /\ queues t !! id' = Some q0)) as Hcase.
  { intros id' q0. rewrite Hqs. destruct (decide (id' = id)) as [->|]; simplify_map_eq; [|by right].
    intros [= <-]. by left. }
  split; rewrite ?Hnq, ?Hn; auto.
  - intros n id' Hnn. destruct (W1 n id' Hnn) as (q0 & Hq0 & Hl0). rewrite Hqs.
    destruct (decide (id' = id)) as [->|]; simplify_map_eq; eauto.
  - intros id' q0 [[-> ->]|[_ H]]%Hcase; [rewrite Hlk|]; eauto.
  - intros d x Hdx. apply Hsome. eauto.
  - intros p x Hpx. apply Hsome. eauto.
  - intros id' q0 [[-> ->]|[Hne H]]%Hcase; rewrite Ho; [by rewrite decide_True|].
    rewrite decide_False by done. auto.
  - intros id' q0 [[-> ->]|[Hne H]]%Hcase; rewrite Hp; [by rewrite decide_True|].
    rewrite decide_False by done. auto.
  - intros id' q0 [[-> ->]|[_ H]]%Hcase; eauto.
  - eapply fresh_subset; [done|]. intros id' [q0 H]. apply Hcase in H as [[-> ->]|[_ H]]; eauto.
Qed.

Lemma live_other t t' id q' : (forall id', live t id') -> queues t' = <[id := q']> (queues t) ->
  forall id', id' <> id -> live t' id'.
Proof. intros Hl Hqs id' Hne q0. rewrite Hqs, lookup_insert_ne by done. apply Hl. Qed.

Lemma queue_ok_counts q l o p : queue_ok q -> queue_ok (with_counts q l o p).
Proof. by intros []. Qed.
#[export] Hint Resolve queue_ok_counts : kandelo.

Lemma mqueue_wf_new : wf new.
Proof.
  split; [|done]. split; simpl; try done.
  - split; [vm_compute; split; discriminate|]. intros id [? H]. done.
  - split; [vm_compute; split; discriminate|]. intros id [? H]. done.
  - split; [vm_compute; split; discriminate|]. intros id [? H]. done.
Qed.

Lemma refs_step {A} (f : A -> Z) (m : gmap Z A) k x id' : m !! k = None ->
  refs f (<[k := x]> m) id' = if decide (id' = f x) then refs f m (f x) + 1 else refs f m id'.
Proof.
  intros Hk. rewrite refs_insert by done.
  destruct (decide (id' = f x)) as [->|]; [by rewrite decide_True|]. rewrite decide_False by auto. lia.
Qed.

Lemma refs_unstep {A} (f : A -> Z) (m : gmap Z A) k x id' : m !! k = Some x ->
  refs f (delete k m) id' = if decide (id' = f x) then refs f m (f x) - 1 else refs f m id'.
Proof.
  intros Hk. rewrite (refs_delete f m k x) by done.
  destruct (decide (id' = f x)) as [->|]; [by rewrite decide_True|]. rewrite decide_False by auto. lia.
Qed.

Lemma refs_same (P : Prop) `{Decision P} (a b : Z) : (P -> a = b) -> b = if decide P then a else b.
Proof. intros Hab. case_decide; [|done]. symmetry. auto. Qed.

Lemma pin_descriptor_wf t adm mqd t' r : wf t -> pin_descriptor t adm mqd = (t', r) -> wf t'.
Proof.
  intros [Hc Hl]. unfold pin_descriptor, resolve_descriptor, ok_or.
  destruct (descriptors t !! mqd) as [d|] eqn:Hd; [|by intros [= <- _]].
  destruct (next_free_pin_id t) as [[id next]|] eqn:Hid; [|by intros [= <- _]].
  destruct (prepare_io _ _ _); [|by intros [= <- _]].
  destruct (queues t !! queue_id d) as [q|] eqn:Hq; [|by intros [= <- _]].
  destruct (checked_add _ _ _) as [n|] eqn:Hn; [|by intros [= <- _]]. intros [= <- _].
  apply next_free_pin_id_spec in Hid as [Hfree Hfresh]; [|done].
  unfold checked_add in Hn. destruct (_ <=? _); [|done]. injection Hn as <-.
  pose proof (w_open _ Hc _ _ Hq) as Ho. pose proof (w_pinned _ Hc _ _ Hq) as Hp.
  split.
  - eapply (recount_core t _ (queue_id d) q); [done|done|done|reflexivity|done|done| | | | | |apply Hc|apply Hfresh].
    + apply queue_ok_counts. by eapply w_queue.
    + intros id'. simpl. apply refs_same. by intros ->.
    + intros id'. simpl. rewrite refs_step, <- Hp by done. done.
    + intros d0 x Hx. right. by eapply w_desc.
    + simpl. intros p x. rewrite lookup_insert. case_decide; [intros [= <-]; by left|].
      intros Hx. right. by eapply w_pins.
  - intros id'. destruct (decide (id' = queue_id d)) as [->|Hne].
    + intros q0. simpl. rewrite lookup_insert_eq. intros [= <-].
      destruct (Hl _ _ Hq) as [|[]]; unfold used; simpl; auto; lia.
    + eapply live_other; [exact Hl|reflexivity|done].
Qed.

Lemma release_wf t p t' r : wf t -> release_pinned_descriptor t p = (t', r) -> wf t'.
Proof.
  intros [Hc Hl]. unfold release_pinned_descriptor, ok_or.
  case_bool_decide as Hpin; simpl; [|by intros [= <- _]].
  set (id := queue_id (pinned_descriptor p)) in *.
  destruct (queues t !! id) as [q|] eqn:Hq; [|by intros [= <- _]].
  destruct (checked_sub _ _) as [n|] eqn:Hn; [|by intros [= <- _]]. intros [= <- _].
  unfold checked_sub in Hn. destruct (_ <=? _); [|done]. injection Hn as <-.
  pose proof (w_open _ Hc _ _ Hq) as Ho. pose proof (w_pinned _ Hc _ _ Hq) as Hp.
  apply reclaim_wf; [|by eapply live_other].
  eapply (recount_core t _ id q); [done|done|done|reflexivity|done|done| | | | | |apply Hc|].
  - apply queue_ok_counts. by eapply w_queue.
  - intros id'. simpl. apply refs_same. by intros ->.
  - intros id'. simpl. by rewrite (refs_unstep _ _ _ id), <- Hp by done.
  - intros d0 x Hx. right. by eapply w_desc.
  - simpl. intros p0 x [_ Hx]%lookup_delete_Some. right. by eapply w_pins.
  - eapply fresh_subset; [apply Hc|]. simpl. intros i [x [_ Hx]%lookup_delete_Some]. eauto.
Qed.

Lemma mq_close_wf t mqd t' r : wf t -> mq_close t mqd = (t', r) -> wf t'.
Proof.
  intros [Hc Hl]. unfold mq_close, ok_or.
  destruct (descriptors t !! mqd) as [d|] eqn:Hd; [|by intros [= <- _]].
  destruct (queues t !! queue_id d) as [q|] eqn:Hq; [|by intros [= <- _]].
  destruct (checked_sub _ _) as [n|] eqn:Hn; [|by intros [= <- _]]. intros [= <- _].
  unfold checked_sub in Hn. destruct (_ <=? _); [|done]. injection Hn as <-.
  pose proof (w_open _ Hc _ _ Hq) as Ho. pose proof (w_pinned _ Hc _ _ Hq) as Hp.
  apply reclaim_wf; [|by eapply live_other].
  eapply (recount_core t _ (queue_id d) q); [done|done|done|reflexivity|done|done| | | | | | |apply Hc].
  - apply queue_ok_counts. by eapply w_queue.
  - intros id'. simpl. by rewrite (refs_unstep _ _ _ d), <- Ho by done.
  - intros id'. simpl. apply refs_same. by intros ->.
  - simpl. intros d0 x [_ Hx]%lookup_delete_Some. right. by eapply w_desc.
  - intros p x Hx. right. by eapply w_pins.
  - eapply fresh_subset; [apply Hc|]. simpl. intros i [x [_ Hx]%lookup_delete_Some]. eauto.
Qed.

Lemma mq_unlink_wf t name t' r : wf t -> mq_unlink t name = (t', r) -> wf t'.
Proof.
  intros [Hc Hl]. unfold mq_unlink, ok_or.
  destruct (names t !! name) as [id|] eqn:Hn; [|by intros [= <- _]].
  destruct (w_names _ Hc _ _ Hn) as (q & Hq & Hlk). cbn [queues set_names]. rewrite Hq. intros [= <- _].
  pose proof Hc as [W1 W2 W3 W4 W5 W6 W7 W8 W9 W10 W11].
  apply reclaim_wf; [|by eapply live_other].
  assert (forall id' q0, <[id := with_counts q false (open_count q) (active_pins q)]> (queues t) !! id' = Some q0 ->
    (id' = id /\ q0 = with_counts q false (open_count q) (active_pins q))
    \/ (id' <> id /\ queues t !! id' = Some q0)) as Hcase.
  { intros id' q0. rewrite lookup_insert. case_decide; [intros [= <-]; by left|by right]. }
  split; simpl; auto.
  - intros n i [Hne Hi]%lookup_delete_Some. destruct (W1 _ _ Hi) as (q0 & Hq0 & Hl0).
    exists q0. rewrite lookup_insert_ne; [done|]. intros ->. by apply Hne, (W2 _ _ i).
  - intros n1 n2 i [_ H1]%lookup_delete_Some [_ H2]%lookup_delete_Some. eauto.
  - intros i q0 [[-> ->]|[Hne H]]%Hcase Hlk0; [done|]. destruct (W3 _ _ H Hlk0) as [n Hn'].
    exists n. rewrite lookup_delete_ne; [done|]. congruence.
  - intros d x Hd. rewrite lookup_insert. case_decide; eauto.
  - intros p i Hp. rewrite lookup_insert. case_decide; eauto.
  - intros i q0 [[-> ->]|[_ H]]%Hcase; simpl; auto.
  - intros i q0 [[-> ->]|[_ H]]%Hcase; simpl; auto.
  - intros i q0 [[-> ->]|[_ H]]%Hcase; eauto with kandelo.
  - eapply fresh_subset; [done|]. intros i [q0 [[-> ->]|[_ H]]%Hcase]; eauto.
Qed.

Lemma open_existing_wf t mqd next id q access nb : wf t -> next_free_mqd t = Ok (mqd, next) ->
  queues t !! id = Some q ->
  wf (mkTable (names t) (<[id := with_counts q (linked q) (open_count q + 1) (active_pins q)]> (queues t))
        (<[mqd := mkDescriptor id access nb]> (descriptors t)) (pins t) (next_queue_id t) next
        (next_pin_id t) (pending_notification t)).
Proof.
  intros [Hc Hl] Hid Hq. apply next_free_mqd_spec in Hid as (Hfree & _ & Hfresh); [|done].
  pose proof (w_open _ Hc _ _ Hq) as Ho. pose proof (w_pinned _ Hc _ _ Hq) as Hp. split.
  - eapply (recount_core t _ id q); [done|done|done|reflexivity|done|done| | | | | |apply Hfresh|apply Hc].
    + apply queue_ok_counts. by eapply w_queue.
    + intros id'. simpl. rewrite refs_step by done. simpl. by rewrite <- Ho.
    + intros id'. simpl. apply refs_same. by intros ->.
    + simpl. intros d x. rewrite lookup_insert. case_decide; [intros [= <-]; by left|].
      intros Hx. right. by eapply w_desc.
    + intros p x Hx. right. by eapply w_pins.
  - intros id'. destruct (decide (id' = id)) as [->|Hne].
    + intros q0. simpl. rewrite lookup_insert_eq. intros [= <-].
      pose proof (refs_nonneg queue_id (descriptors t) id). right; left. simpl. lia.
    + eapply live_other; [exact Hl|reflexivity|done].
Qed.

Lemma open_new_wf t mqd next id nextq name access nb max sz md : wf t ->
  next_free_mqd t = Ok (mqd, next) -> next_free_queue_id t = Ok (id, nextq) ->
  names t !! name = None -> 0 <= max ->
  wf (mkTable (<[name := id]> (names t)) (<[id := mkQueue max sz [] true 1 0 None md]> (queues t))
        (<[mqd := mkDescriptor id access nb]> (descriptors t)) (pins t) nextq next
        (next_pin_id t) (pending_notification t)).
Proof.
  intros [Hc Hl] Hmqd Hid Hname Hmax.
  apply next_free_mqd_spec in Hmqd as (Hfree & _ & Hfresh); [|done].
  apply next_free_queue_id_spec in Hid as (_ & Hq & Hfq); [|done].
  pose proof Hc as [W1 W2 W3 W4 W5 W6 W7 W8 W9 W10 W11].
  set (q := mkQueue max sz [] true 1 0 None md).
  assert (forall id' q0, <[id := q]> (queues t) !! id' = Some q0 ->
    (id' = id /\ q0 = q) \/ (id' <> id /\ queues t !! id' = Some q0)) as Hcase.
  { intros id' q0. rewrite lookup_insert. case_decide; [intros [= <-]; by left|by right]. }
  assert (forall i, is_Some (queues t !! i) -> i <> id) as Hne by (intros i [? ?] ->; congruence).
  split; [split; simpl; auto|].
  - intros n i. rewrite !lookup_insert. case_decide as Hn.
    + intros [= <-]. exists q. by rewrite decide_True.
    + intros Hi. destruct (W1 _ _ Hi) as (q0 & Hq0 & ?). exists q0.
      rewrite decide_False; [done|]. intros ->. congruence.
  - intros n1 n2 i. rewrite !lookup_insert. do 2 case_decide; intros Ha Hb; simplify_eq; eauto.
    + destruct (W1 _ _ Hb) as (? & ? & _). congruence.
    + destruct (W1 _ _ Ha) as (? & ? & _). congruence.
  - intros i q0 [[-> ->]|[Hi H]]%Hcase Hlk.
    + exists name. by rewrite lookup_insert_eq.
    + destruct (W3 _ _ H Hlk) as [n Hn]. exists n. rewrite lookup_insert_ne; [done|]. congruence.
  - intros d x. rewrite !lookup_insert. case_decide; [intros [= <-]; by rewrite decide_True|].
    intros Hx%W4. rewrite decide_False; [done|]. by apply not_eq_sym, Hne.
  - intros p i Hp%W5. rewrite lookup_insert_ne; [done|]. by apply not_eq_sym, Hne.
  - intros i q0 [[-> ->]|[Hi H]]%Hcase; rewrite refs_step by done; simpl.
    + rewrite decide_True by done. rewrite refs_zero; [done|].
      intros k x Hx%W4 E. rewrite E in Hx. by apply Hne in Hx.
    + rewrite decide_False by done. auto.
  - intros i q0 [[-> ->]|[Hi H]]%Hcase; [|auto]. simpl. symmetry. apply refs_zero.
    intros k x Hx%W5 ->. by apply Hne in Hx.
  - intros i q0 [[-> ->]|[Hi H]]%Hcase; [|eauto]. by split; simpl; [constructor|lia|].
  - intros i q0 [[-> ->]|[Hi H]]%Hcase; [by left|by apply (Hl i)].
Qed.

(** The three outcomes of [mq_open]. *)
Inductive opened (t : MqueueTable) (name : list Z) (maxmsg0 : Z) : MqueueTable -> result Z -> Prop :=
  | opened_err e : opened t name maxmsg0 t (Err e)
  | opened_existing mqd next id q access nb :
      names t !! name = Some id -> next_free_mqd t = Ok (mqd, next) -> queues t !! id = Some q ->
      opened t name maxmsg0
        (mkTable (names t) (<[id := with_counts q (linked q) (open_count q + 1) (active_pins q)]> (queues t))
           (<[mqd := mkDescriptor id access nb]> (descriptors t)) (pins t) (next_queue_id t) next
           (next_pin_id t) (pending_notification t)) (Ok mqd)
  | opened_new mqd next id nextq access nb max sz md :
      names t !! name = None -> next_free_mqd t = Ok (mqd, next) ->
      next_free_queue_id t = Ok (id, nextq) -> (0 <= maxmsg0 -> 0 <= max) ->
      opened t name maxmsg0
        (mkTable (<[name := id]> (names t)) (<[id := mkQueue max sz [] true 1 0 None md]> (queues t))
           (<[mqd := mkDescriptor id access nb]> (descriptors t)) (pins t) nextq next
           (next_pin_id t) (pending_notification t)) (Ok mqd).

Lemma mq_open_cases t mem name flags md max sz attr t' r :
  mq_open t mem name flags md max sz attr = (t', r) -> opened t name max t' r.
Proof.
  unfold mq_open.
  destruct (bool_decide (name = [])); [by intros [= <- <-]; constructor|].
  destruct (NAME_MAX_BYTES <=? lenZ name); [by intros [= <- <-]; constructor|].
  destruct (_ && _ && _); [by intros [= <- <-]; constructor|].
  destruct (negb _ && negb _); [by intros [= <- <-]; constructor|].
  destruct (negb _ && _); [by intros [= <- <-]; constructor|].
  destruct (negb _ && _); [by intros [= <- <-]; constructor|].
  destruct (next_free_mqd t) as [[mqd next]|] eqn:Hmqd; [|by intros [= <- <-]; constructor].
  destruct (names t !! name) as [id|] eqn:Hname.
  - destruct (prepare_io _ _ _); [|by intros [= <- <-]; constructor].
    destruct (queues t !! id) as [q|] eqn:Hq; [|by intros [= <- <-]; constructor]. cbn [ok_or].
    unfold checked_add. destruct (_ <=? u32_max); [|by intros [= <- <-]; constructor].
    intros [= <- <-]. by constructor.
  - destruct (next_free_queue_id t) as [[id nextq]|] eqn:Hid; [|by intros [= <- <-]; constructor].
    destruct (prepare_io _ _ _); [|by intros [= <- <-]; constructor].
    destruct (prepare_io _ _ _); [|by intros [= <- <-]; constructor].
    destruct (negb _); [by intros [= <- <-]; constructor|]. intros [= <- <-]. constructor; [done..|].
    destruct attr; [done|]. intros _. vm_compute. discriminate.
Qed.

(** Attributes arrive as [u32]. *)
Lemma mq_open_wf t mem name flags md max sz attr t' r : 0 <= max -> wf t ->
  mq_open t mem name flags md max sz attr = (t', r) -> wf t'.
Proof.
  intros Hmax Hwf H. apply mq_open_cases in H as [e|mqd next id q access nb Hn Hf Hq|]; [done| |].
  - by apply open_existing_wf.
  - apply open_new_wf; auto.
Qed.

(** ** Messages *)

(** A new message goes behind every message of at least its priority. *)
Lemma insert_message_split m ms : StronglySorted (fun a b => priority b <= priority a) ms ->
  exists l1 l2, ms = l1 ++ l2 /\ insert_message m ms = l1 ++ m :: l2
    /\ (forall x, In x l1 -> priority m <= priority x)
    /\ (forall x, In x l2 -> priority x < priority m).
Proof.
  intros Hs. unfold insert_message. destruct (position _ ms) as [i|] eqn:Hp.
  - apply position_Some in Hp as (x & Hx & Hlt & Hbefore). to_prop.
    exists (take i ms), (drop i ms). split; [by rewrite take_drop|]. split; [done|].
    rewrite forallb_forall in Hbefore. split.
    + intros y Hy%Hbefore. to_prop. lia.
    + intros y Hy. rewrite <- (take_drop_middle ms i x Hx) in Hs. clear Hbefore.
      induction (take i ms) as [|z l IH]; [|by apply StronglySorted_inv in Hs as [? _]; auto].
      simpl in Hs. apply StronglySorted_inv in Hs as [_ Hall]. rewrite List.Forall_forall in Hall.
      rewrite (drop_S ms x i Hx) in Hy. destruct Hy as [<-|Hy]; [done|]. specialize (Hall y Hy). simpl in Hall. lia.
  - exists ms, []. rewrite app_nil_r. split; [done|]. split; [done|]. split; [|done].
    intros x Hx. pose proof (proj1 (position_None _ _) Hp x Hx). simpl in *. to_prop. lia.
Qed.

Lemma insert_message_sorted m ms : StronglySorted (fun a b => priority b <= priority a) ms ->
  StronglySorted (fun a b => priority b <= priority a) (insert_message m ms).
Proof.
  intros Hs. destruct (insert_message_split m ms Hs) as (l1 & l2 & -> & -> & H1 & H2).
  induction l1 as [|x l1 IH]; simpl in *.
  - constructor; [done|]. apply List.Forall_forall. intros y Hy. specialize (H2 y Hy). lia.
  - apply StronglySorted_inv in Hs as [Hs Hall]. rewrite List.Forall_forall in Hall.
    constructor; [auto|]. apply List.Forall_forall. intros y [Hy|[<-|Hy]]%in_app_iff; auto.
    + apply Hall, in_app_iff. auto.
    + apply Hall, in_app_iff. auto.
Qed.

Lemma in_insert_message x m ms : In x (insert_message m ms) <-> x = m \/ In x ms.
Proof.
  unfold insert_message. destruct (position _ ms); [apply in_insert_at|].
  rewrite in_app_iff. simpl. intuition.
Qed.

Lemma length_insert_message m ms : lenZ (insert_message m ms) = lenZ ms + 1.
Proof.
  unfold insert_message. destruct (position _ ms); [rewrite length_insert_at; lia|].
  rewrite length_app. simpl. lia.
Qed.

Lemma queue_ok_send q bytes prio n : queue_ok q -> lenZ bytes <= msgsize q ->
  lenZ (messages q) < maxmsg q ->
  queue_ok (with_messages q (insert_message (mkMessage bytes prio) (messages q)) n).
Proof.
  intros [H1 H2 H3] Hb Hl. split; simpl.
  - by apply insert_message_sorted.
  - rewrite length_insert_message. lia.
  - intros m [->|Hm]%in_insert_message; auto.
Qed.

Lemma queue_ok_receive q m ms n : queue_ok q -> messages q = m :: ms -> queue_ok (with_messages q ms n).
Proof.
  intros [H1 H2 H3] E. rewrite E in *. apply StronglySorted_inv in H1 as [H1 _]. split; simpl in *; auto; lia.
Qed.

Lemma queue_ok_same q n : queue_ok q -> queue_ok (with_messages q (messages q) n).
Proof. by intros []. Qed.

Lemma mq_send_wf t a m1 m2 bytes prio t' r : wf t -> mq_send_for t a m1 m2 bytes prio = (t', r) -> wf t'.
Proof.
  intros Hwf. unfold mq_send_for. destruct (resolve_descriptor t a) as [d|]; [|by intros [= <- _]].
  destruct (_ =? O_RDONLY); [by intros [= <- _]|].
  destruct (queues t !! queue_id d) as [q|] eqn:Hq; [|by intros [= <- _]]. cbn [ok_or].
  destruct (Z.ltb_spec (msgsize q) (lenZ bytes)); [by intros [= <- _]|].
  destruct (Z.leb_spec (maxmsg q) (lenZ (messages q))); [by intros [= <- _]|].
  do 2 (destruct (negb _); [by intros [= <- _]|]). intros [= <- _].
  eapply set_queue_wf; [done..|]. apply queue_ok_send; [|done|done]. eapply w_queue; [apply Hwf|done].
Qed.

Lemma mq_receive_wf t a buf t' r : wf t -> mq_receive_for t a buf = (t', r) -> wf t'.
Proof.
  intros Hwf. unfold mq_receive_for. destruct (resolve_descriptor t a) as [d|]; [|by intros [= <- _]].
  destruct (_ =? O_WRONLY); [by intros [= <- _]|].
  destruct (queues t !! queue_id d) as [q|] eqn:Hq; [|by intros [= <- _]]. cbn [ok_or].
  destruct (_ <? _); [by intros [= <- _]|]. destruct (messages q) as [|m ms] eqn:Hm; [by intros [= <- _]|].
  intros [= <- _]. eapply set_queue_wf; [done..|]. eapply queue_ok_receive; [|done].
  eapply w_queue; [apply Hwf|done].
Qed.

Lemma mq_notify_wf t mqd p s sg v t' r : wf t -> mq_notify t mqd p s sg v = (t', r) -> wf t'.
Proof.
  intros Hwf. unfold mq_notify. destruct (descriptors t !! mqd) as [d|]; [|by intros [= <- _]].
  cbn [ok_or]. destruct (queues t !! queue_id d) as [q|] eqn:Hq; [|by intros [= <- _]]. cbn [ok_or].
  assert (forall n, wf (set_queue t (queue_id d) (with_messages q (messages q) n))) as Hset.
  { intros n. eapply set_queue_wf; [done..|]. apply queue_ok_same. eapply w_queue; [apply Hwf|done]. }
  intros H. repeat case_match; simplify_eq; auto.
Qed.

Lemma mq_getsetattr_wf t mqd f t' r : wf t -> mq_getsetattr t mqd f = (t', r) -> wf t'.
Proof.
  intros Hwf. unfold mq_getsetattr. destruct (descriptors t !! mqd) as [d|] eqn:Hd; [|by intros [= <- _]].
  cbn [ok_or]. destruct (queues t !! queue_id d) as [q|] eqn:Hq; [|by intros [= <- _]]. cbn [ok_or].
  destruct f as [f|]; [|by intros [= <- _]]. intros [= <- _].
  destruct Hwf as [[W1 W2 W3 W4 W5 W6 W7 W8 W9 W10 W11] Hl]. split; [split; simpl; auto|done].
  - intros d' x. rewrite lookup_insert. case_decide; [|by apply W4]. intros [= <-]. simpl. eauto.
  - intros id q0 Hq0. rewrite (refs_update _ _ _ d) by done. auto.
  - eapply fresh_subset; [done|]. intros i Hi. rewrite lookup_insert in Hi. case_decide; subst; eauto.
Qed.

Lemma clear_notification_fields p q : let q' := clear_notification p q in
  messages q' = messages q /\ maxmsg q' = maxmsg q /\ msgsize q' = msgsize q
  /\ linked q' = linked q /\ open_count q' = open_count q /\ active_pins q' = active_pins q.
Proof. unfold clear_notification. by repeat case_match. Qed.

Lemma cleanup_process_wf t p : wf t -> wf (cleanup_process t p).
Proof.
  intros [[W1 W2 W3 W4 W5 W6 W7 W8 W9 W10 W11] Hl].
  assert (forall id q', (clear_notification p <$> queues t) !! id = Some q' ->
    exists q, queues t !! id = Some q /\ q' = clear_notification p q) as Hcase.
  { intros id q'. rewrite lookup_fmap. destruct (queues t !! id); simpl; [|done]. intros [= <-]. eauto. }
  split; [split; simpl; auto|].
  - intros n id Hn. destruct (W1 n id Hn) as (q & Hq & Hlk). rewrite lookup_fmap, Hq. simpl. eexists.
    split; [done|]. by destruct (clear_notification_fields p q) as (_ & _ & _ & -> & _).
  - intros id q' (q & Hq & ->)%Hcase. destruct (clear_notification_fields p q) as (_ & _ & _ & -> & _). eauto.
  - intros d x Hd. rewrite lookup_fmap, fmap_is_Some. eauto.
  - intros d x Hd. rewrite lookup_fmap, fmap_is_Some. eauto.
  - intros id q' (q & Hq & ->)%Hcase. destruct (clear_notification_fields p q) as (_ & _ & _ & _ & -> & _). eauto.
  - intros id q' (q & Hq & ->)%Hcase. destruct (clear_notification_fields p q) as (_ & _ & _ & _ & _ & ->). eauto.
  - intros id q' (q & Hq & ->)%Hcase. destruct (clear_notification_fields p q) as (E1 & E2 & E3 & _).
    destruct (W8 _ _ Hq). split; rewrite ?E1, ?E2, ?E3; done.
  - eapply fresh_subset; [done|]. intros id. by rewrite lookup_fmap, fmap_is_Some.
  - intros id q' (q & Hq & ->)%Hcase. destruct (clear_notification_fields p q) as (_ & _ & _ & E4 & E5 & E6).
    unfold used. rewrite E4, E5, E6. by apply (Hl id).
Qed.

(** ** Sequences of calls *)

Inductive mq_call : Type :=
  | COpen (mem : OpenMemory) (name : list Z) (flags mode maxmsg msgsize : Z) (has_attr : bool)
  | CClose (mqd : Z)
  | CUnlink (name : list Z)
  | CSend (a : MqDescriptorAuthority) (mem_message mem_slot : bool) (bytes : list Z) (prio : Z)
  | CReceive (a : MqDescriptorAuthority) (buf_size : Z)
  | CNotify (mqd pid : Z) (sigev : option Z) (signo value : Z)
  | CSetattr (mqd : Z) (flags : option Z)
  | CPin (admitted : bool) (mqd : Z)
  | CRelease (p : PinnedMqueueDescriptor)
  | CCleanup (pid : Z).

Definition run_call (t : MqueueTable) (c : mq_call) : MqueueTable :=
  match c with
  | COpen mem name flags md max sz attr => fst (mq_open t mem name flags md max sz attr)
  | CClose mqd => fst (mq_close t mqd)
  | CUnlink name => fst (mq_unlink t name)
  | CSend a m1 m2 bytes prio => fst (mq_send_for t a m1 m2 bytes prio)
  | CReceive a buf => fst (mq_receive_for t a buf)
  | CNotify mqd p s sg v => fst (mq_notify t mqd p s sg v)
  | CSetattr mqd f => fst (mq_getsetattr t mqd f)
  | CPin adm mqd => fst (pin_descriptor t adm mqd)
  | CRelease p => fst (release_pinned_descriptor t p)
  | CCleanup p => cleanup_process t p
  end.

Definition run_calls (t : MqueueTable) (cs : list mq_call) : MqueueTable := fold_left run_call cs t.

(** Attributes are unsigned. *)
Definition call_ok (c : mq_call) : Prop :=
  match c with COpen _ _ _ _ max _ _ => 0 <= max | _ => True end.

Lemma run_call_wf t c : call_ok c -> wf t -> wf (run_call t c).
Proof.
  intros Hok Hwf. destruct c; simpl.
  - eapply mq_open_wf; [exact Hok|done|apply surjective_pairing].
  - eapply mq_close_wf; [done|apply surjective_pairing].
  - eapply mq_unlink_wf; [done|apply surjective_pairing].
  - eapply mq_send_wf; [done|apply surjective_pairing].
  - eapply mq_receive_wf; [done|apply surjective_pairing].
  - eapply mq_notify_wf; [done|apply surjective_pairing].
  - eapply mq_getsetattr_wf; [done|apply surjective_pairing].
  - eapply pin_descriptor_wf; [done|apply surjective_pairing].
  - eapply release_wf; [done|apply surjective_pairing].
  - by apply cleanup_process_wf.
Qed.

Lemma run_calls_wf cs t : (forall c, In c cs -> call_ok c) -> wf t -> wf (run_calls t cs).
Proof.
  revert t. induction cs as [|c cs IH]; intros t Hok Hwf; simpl; [done|].
  apply IH; [auto with kandelo|]. apply run_call_wf; auto with kandelo.
Qed.

(** The attributes of a queue object never change while it exists. *)
Definition same_attr (t t' : MqueueTable) : Prop :=
  forall id q q', queues t !! id = Some q -> queues t' !! id = Some q' ->
    msgsize q' = msgsize q /\ maxmsg q' = maxmsg q.

Lemma same_attr_refl t : same_attr t t.
Proof. intros id q q' H1 H2. by simplify_eq. Qed.

Lemma same_attr_set t t' id q q' : queues t !! id = Some q -> queues t' = <[id := q']> (queues t) ->
  msgsize q' = msgsize q -> maxmsg q' = maxmsg q -> same_attr t t'.
Proof.
  intros Hq Hqs E1 E2 i q0 q0' H1. rewrite Hqs, lookup_insert. case_decide as Hi.
  - subst i. intros [= <-]. by simplify_eq.
  - intros. by simplify_eq.
Qed.

Lemma same_attr_reclaim t t' id : same_attr t t' -> same_attr t (reclaim_queue_if_unused t' id).
Proof.
  intros H i q q' H1 H2. apply (H i q q' H1). revert H2. unfold reclaim_queue_if_unused.
  destruct (queues t' !! id) as [q0|]; [|done]. destruct (_ && _ && _); [|done]. simpl.
  by intros [_ ?]%lookup_delete_Some.
Qed.

Lemma pins_reclaim t id : pins (reclaim_queue_if_unused t id) = pins t.
Proof. unfold reclaim_queue_if_unused. by repeat case_match. Qed.

(** A call that does not release pin [pid] keeps it. *)
Definition keeps_pin (pid : Z) (c : mq_call) : Prop :=
  match c with CRelease p => pin_id p <> pid | _ => True end.

Lemma mq_open_pin t mem name flags md max sz attr : wf t ->
  let t' := fst (mq_open t mem name flags md max sz attr) in pins t' = pins t /\ same_attr t t'.
Proof.
  intros Hwf. destruct (mq_open t mem name flags md max sz attr) as [t' r] eqn:E. simpl.
  apply mq_open_cases in E as [e|mqd next id q access nb Hn Hf Hq|mqd next id nextq access nb max' sz' md' Hn Hf Hid _].
  - auto using same_attr_refl.
  - split; [done|]. by eapply same_attr_set.
  - apply next_free_queue_id_spec in Hid as (_ & Hfree & _); [|apply Hwf]. split; [done|].
    intros i q q' H1. simpl. rewrite lookup_insert. case_decide; [congruence|]. intros. by simplify_eq.
Qed.

Lemma run_call_pin t c p id : wf t -> keeps_pin p c -> pins t !! p = Some id ->
  pins (run_call t c) !! p = Some id /\ same_attr t (run_call t c).
Proof.
  intros Hwf Hk Hp. pose proof (same_attr_refl t) as Hrefl. destruct c; simpl.
  - pose proof (mq_open_pin t mem name flags mode0 maxmsg0 msgsize0 has_attr Hwf) as [-> Hs]. done.
  - unfold mq_close, ok_or. destruct (descriptors t !! mqd); [|done].
    destruct (queues t !! _) eqn:Hq; [|done]. destruct (checked_sub _ _); [|done]. simpl.
    rewrite pins_reclaim. split; [done|]. apply same_attr_reclaim. by eapply same_attr_set.
  - unfold mq_unlink, ok_or. destruct (names t !! name); [|done]. cbn [queues set_names].
    destruct (queues t !! _) eqn:Hq; [|done]. simpl. rewrite pins_reclaim. split; [done|].
    apply same_attr_reclaim. by eapply same_attr_set.
  - unfold mq_send_for, ok_or. destruct (resolve_descriptor t a); [|done]. destruct (_ =? O_RDONLY); [done|].
    destruct (queues t !! _) eqn:Hq; [|done].
    destruct (_ <? _); [done|]. destruct (_ <=? _); [done|]. destruct mem_message, mem_slot; try done.
    split; [done|]. by eapply same_attr_set.
  - unfold mq_receive_for, ok_or. destruct (resolve_descriptor t a); [|done]. destruct (_ =? O_WRONLY); [done|].
    destruct (queues t !! _) as [q|] eqn:Hq; [|done]. destruct (_ <? _); [done|].
    destruct (messages q); [done|]. split; [done|]. by eapply same_attr_set.
  - unfold mq_notify, ok_or. destruct (descriptors t !! mqd); [|done].
    destruct (queues t !! _) as [q|] eqn:Hq; [|done].
    repeat case_match; (split; [done|]); try done; by eapply same_attr_set.
  - unfold mq_getsetattr, ok_or. destruct (descriptors t !! mqd); [|done].
    destruct (queues t !! _) as [q|] eqn:Hq; [|done]. by destruct flags.
  - unfold pin_descriptor, resolve_descriptor, ok_or. destruct (descriptors t !! mqd) as [d|]; [|done].
    destruct (next_free_pin_id t) as [[i next]|] eqn:Hid; [|done]. destruct (prepare_io _ _ _); [|done].
    destruct (queues t !! _) as [q|] eqn:Hq; [|done]. destruct (checked_add _ _ _); [|done]. simpl.
    apply next_free_pin_id_spec in Hid as [Hfree _]; [|apply Hwf].
    split; [rewrite lookup_insert_ne; [done|congruence]|]. by eapply same_attr_set.
  - unfold release_pinned_descriptor, ok_or. destruct (negb _); [done|].
    destruct (queues t !! _) as [q|] eqn:Hq; [|done]. destruct (checked_sub _ _); [|done]. simpl.
    rewrite pins_reclaim. simpl. split; [by rewrite lookup_delete_ne|].
    apply same_attr_reclaim. by eapply same_attr_set.
  - split; [done|]. intros i q q' Hq. simpl. rewrite lookup_fmap, Hq. intros [= <-].
    by destruct (clear_notification_fields pid0 q) as (_ & -> & -> & _).
Qed.

Lemma run_calls_pin cs t p id q : wf t -> (forall c, In c cs -> call_ok c /\ keeps_pin p c) ->
  pins t !! p = Some id -> queues t !! id = Some q ->
  pins (run_calls t cs) !! p = Some id
  /\ exists q', queues (run_calls t cs) !! id = Some q' /\ msgsize q' = msgsize q /\ maxmsg q' = maxmsg q.
Proof.
  revert t q. induction cs as [|c cs IH]; intros t q Hwf Hcs Hp Hq; [simpl; eauto|].
  destruct (Hcs c) as [Hok Hk]; [by left|].
  pose proof (run_call_wf t c Hok Hwf) as Hwf'. destruct (run_call_pin t c p id Hwf Hk Hp) as [Hp' Hs].
  destruct (w_pins _ (wf_core _ Hwf') _ _ Hp') as [q1 Hq1]. destruct (Hs _ _ _ Hq Hq1) as [E1 E2].
  destruct (IH (run_call t c) q1) as (H1 & q' & H2 & H3 & H4); auto with kandelo.
  split; [done|]. exists q'. split; [done|]. split; congruence.
Qed.

(** ** Identities are given out once *)

(** What a counter that stands at [n] has passed. *)
Definition passed (n : option Z) (id : Z) : Prop := match n with Some n => id < n | None => True end.

(** One map of objects and its counter before and after some calls: what is
    new was not passed yet, and what was passed stays passed. *)
Record numbered {A} (m : gmap Z A) (n : option Z) (m' : gmap Z A) (n' : option Z) : Prop := {
  nu_new : forall id, is_Some (m' !! id) -> is_Some (m !! id) \/ ~ passed n id;
  nu_passed : forall id, passed n id -> passed n' id;
}.

Section Numbered.
Context {A : Type}.
Implicit Types m : gmap Z A.

Lemma numbered_subset m m' n : (forall id, is_Some (m' !! id) -> is_Some (m !! id)) -> numbered m n m' n.
Proof. by split; auto. Qed.

Lemma numbered_update m n c x y : m !! c = Some x -> numbered m n (<[c := y]> m) n.
Proof. intros H. apply numbered_subset. intros id. rewrite lookup_insert. case_decide; subst; eauto. Qed.

Lemma numbered_delete m n c : numbered m n (delete c m) n.
Proof. apply numbered_subset. intros id [x [_ Hx]%lookup_delete_Some]. eauto. Qed.

Lemma numbered_insert m max c x : numbered m (Some c) (<[c := x]> m) (next_id max c).
Proof.
  split.
  - intros id. rewrite lookup_insert. case_decide; [subst; right; simpl; lia|by left].
  - unfold next_id. destruct (_ <=? _); simpl; [lia|done].
Qed.

Lemma numbered_trans m1 n1 m2 n2 m3 n3 : numbered m1 n1 m2 n2 -> numbered m2 n2 m3 n3 -> numbered m1 n1 m3 n3.
Proof. intros [A1 A2] [B1 B2]. split; [|auto]. intros id [?|Hn]%B1; [auto|]. right. auto. Qed.

(** An identity that was in use and is in use no more is never in use again. *)
Lemma numbered_once lo max m1 n1 m2 n2 m3 n3 id : fresh_from m1 lo max n1 -> numbered m1 n1 m2 n2 -> numbered m2 n2 m3 n3 ->
  is_Some (m1 !! id) -> m2 !! id = None -> m3 !! id = None.
Proof.
  intros Hf [_ A2] [B1 _] H1 H2. destruct (m3 !! id) eqn:H3; [|done]. destruct (B1 id) as [[x Hx]|Hn]; [eauto|congruence|].
  destruct Hn. apply A2. destruct n1; [by apply Hf|done].
Qed.
End Numbered.

Record issues (t t' : MqueueTable) : Prop := {
  is_queues : numbered (queues t) (next_queue_id t) (queues t') (next_queue_id t');
  is_mqds : numbered (descriptors t) (next_mqd t) (descriptors t') (next_mqd t');
  is_pins : numbered (pins t) (next_pin_id t) (pins t') (next_pin_id t');
}.

Lemma issues_trans t1 t2 t3 : issues t1 t2 -> issues t2 t3 -> issues t1 t3.
Proof. intros [] []. split; by eapply numbered_trans. Qed.

Lemma issues_refl t : issues t t.
Proof. by split; apply numbered_subset. Qed.

Lemma issues_reclaim t id : issues t (reclaim_queue_if_unused t id).
Proof.
  unfold reclaim_queue_if_unused. destruct (queues t !! id); [|apply issues_refl]. destruct (_ && _ && _); [|apply issues_refl].
  split; simpl; [apply numbered_delete|by apply numbered_subset..].
Qed.

Lemma issues_set_queue t id q q' : queues t !! id = Some q -> issues t (set_queue t id q').
Proof. intros H. split; simpl; [by eapply numbered_update|by apply numbered_subset..]. Qed.

Lemma next_free_counters t :
  (forall c n, core t -> next_free_queue_id t = Ok (c, n) -> next_queue_id t = Some c /\ n = next_id u64_max c)
  /\ (forall c n, core t -> next_free_mqd t = Ok (c, n) -> next_mqd t = Some c /\ n = next_id MQD_MAX c)
  /\ (forall c n, core t -> next_free_pin_id t = Ok (c, n) -> next_pin_id t = Some c /\ n = next_id u64_max c).
Proof.
  split_and!; intros c n [_ _ _ _ _ _ _ _ H9 H10 H11];
    [unfold next_free_queue_id; destruct (next_queue_id t) as [x|]|unfold next_free_mqd; destruct (next_mqd t) as [x|]|
     unfold next_free_pin_id; destruct (next_pin_id t) as [x|]]; cbn [ok_or]; try done;
    destruct (_ : bool); try done; erewrite fresh_scan by eassumption; by intros [= -> ->].
Qed.

Lemma mq_open_issues t mem name flags md max sz attr : core t -> issues t (fst (mq_open t mem name flags md max sz attr)).
Proof.
  intros Hc. destruct (mq_open t mem name flags md max sz attr) as [t' r] eqn:E. simpl. destruct (next_free_counters t) as (Hq & Hd & _).
  apply mq_open_cases in E as [e|mqd next id q access nb Hn Hf Hq'|mqd next id nextq access nb max' sz' md' Hn Hf Hid _]; [apply issues_refl|..];
    destruct (Hd _ _ Hc Hf) as [E1 ->].
  - split; simpl; [by eapply numbered_update|rewrite E1; apply numbered_insert|by apply numbered_subset].
  - destruct (Hq _ _ Hc Hid) as [E2 ->]. split; simpl; [rewrite E2; apply numbered_insert|rewrite E1; apply numbered_insert|by apply numbered_subset].
Qed.

Lemma pin_descriptor_issues t adm mqd : core t -> issues t (fst (pin_descriptor t adm mqd)).
Proof.
  intros Hc. pose proof (issues_refl t) as Hr. unfold pin_descriptor. destruct (resolve_descriptor _ _) as [d|]; [|done].
  destruct (next_free_pin_id t) as [[c n]|] eqn:Hf; [|done]. destruct (next_free_counters t) as (_ & _ & Hp). destruct (Hp _ _ Hc Hf) as [E ->].
  destruct (prepare_io _ _ _); [|done]. destruct (queues t !! _) as [q|] eqn:Hq; [|done]. cbn [ok_or].
  destruct (checked_add _ _ _); [|done]. split; simpl; [by eapply numbered_update|by apply numbered_subset|rewrite E; apply numbered_insert].
Qed.

Lemma run_call_issues t c : core t -> issues t (run_call t c).
Proof.
  intros Hc. pose proof (issues_refl t) as Hr. destruct c; cbn [run_call];
    [by apply mq_open_issues| | | | | | |by apply pin_descriptor_issues| |].
  - unfold mq_close. destruct (descriptors t !! mqd) as [d|]; [|done]. cbn [ok_or]. destruct (queues t !! _) as [q|] eqn:Hq; [|done]. cbn [ok_or].
    destruct (checked_sub _ _); [|done]. eapply issues_trans; [|apply issues_reclaim].
    split; simpl; [by eapply numbered_update|apply numbered_delete|by apply numbered_subset].
  - unfold mq_unlink. destruct (names t !! name) as [id|]; [|done]. cbn [ok_or queues set_names]. destruct (queues t !! id) as [q|] eqn:Hq; [|by destruct Hr].
    eapply issues_trans; [|apply issues_reclaim]. split; simpl; [by eapply numbered_update|by apply numbered_subset..].
  - unfold mq_send_for. destruct (resolve_descriptor t a) as [d|]; [|done]. destruct (_ =? O_RDONLY); [done|].
    destruct (queues t !! _) as [q|] eqn:Hq; [|done]. cbn [ok_or]. destruct (_ <? _); [done|]. destruct (_ <=? _); [done|].
    destruct mem_message, mem_slot; try done. by eapply issues_set_queue.
  - unfold mq_receive_for. destruct (resolve_descriptor t a) as [d|]; [|done]. destruct (_ =? O_WRONLY); [done|].
    destruct (queues t !! _) as [q|] eqn:Hq; [|done]. cbn [ok_or]. destruct (_ <? _); [done|]. destruct (messages q); [done|]. by eapply issues_set_queue.
  - unfold mq_notify. destruct (descriptors t !! mqd) as [d|]; [|done]. cbn [ok_or]. destruct (queues t !! _) as [q|] eqn:Hq; [|done]. cbn [ok_or].
    repeat case_match; try done; by eapply issues_set_queue.
  - unfold mq_getsetattr. destruct (descriptors t !! mqd) as [d|] eqn:Hd; [|done]. cbn [ok_or]. destruct (queues t !! _) as [q|]; [|done].
    destruct flags; [|done]. split; simpl; [by apply numbered_subset|by eapply numbered_update|by apply numbered_subset].
  - unfold release_pinned_descriptor. destruct (negb _); [done|]. destruct (queues t !! _) as [q|] eqn:Hq; [|done]. cbn [ok_or].
    destruct (checked_sub _ _); [|done]. eapply issues_trans; [|apply issues_reclaim].
    split; simpl; [by eapply numbered_update|by apply numbered_subset|apply numbered_delete].
  - split; simpl; [|by apply numbered_subset..]. apply numbered_subset. intros id. by rewrite lookup_fmap, fmap_is_Some.
Qed.

Lemma run_calls_issues cs t : (forall c, In c cs -> call_ok c) -> wf t -> issues t (run_calls t cs).
Proof.
  revert t. induction cs as [|c cs IH]; intros t Hok Hwf; [apply issues_refl|].
  eapply issues_trans; [apply run_call_issues, Hwf|]. apply IH; [auto with kandelo|]. apply run_call_wf; auto with kandelo.
Qed.

(** ** Theorems *)

(** C17. Invariant. In every state reachable from the empty table, names,
    descriptors and pins refer to existing queues, at most one name to each,
    the open and pin counts of a queue are the number of descriptors and pins
    that refer to it, an object nothing refers to is gone, and every queue is
    in priority order within its message and size limits. No identity is given
    out twice: a queue, a descriptor or a pin whose number was in use after
    some of the calls and was not in use after more of them is not in use
    after any calls that follow. *)
Theorem mqueue_invariant cs : (forall c, In c cs -> call_ok c) ->
  wf (run_calls new cs)
  /\ forall cs1 cs2 cs3 id, cs = cs1 ++ cs2 ++ cs3 ->
       let t1 := run_calls new cs1 in let t2 := run_calls t1 cs2 in let t3 := run_calls t2 cs3 in
       (is_Some (queues t1 !! id) -> queues t2 !! id = None -> queues t3 !! id = None)
       /\ (is_Some (descriptors t1 !! id) -> descriptors t2 !! id = None -> descriptors t3 !! id = None)
       /\ (is_Some (pins t1 !! id) -> pins t2 !! id = None -> pins t3 !! id = None).
Proof.
  intros H. split; [by apply run_calls_wf, mqueue_wf_new|]. intros cs1 cs2 cs3 id -> t1 t2 t3.
  assert (wf t1) as W1 by (apply run_calls_wf; [intros c Hc; apply H, in_app_iff; by left|apply mqueue_wf_new]).
  assert (forall c, In c cs2 -> call_ok c) as H2 by (intros c Hc; apply H; rewrite !in_app_iff; auto).
  assert (forall c, In c cs3 -> call_ok c) as H3 by (intros c Hc; apply H; rewrite !in_app_iff; auto).
  pose proof (run_calls_issues cs2 t1 H2 W1) as [I1 I2 I3].
  pose proof (run_calls_issues cs3 t2 H3 (run_calls_wf cs2 t1 H2 W1)) as [J1 J2 J3]. destruct W1 as [[_ _ _ _ _ _ _ _ F1 F2 F3] _].
  split_and!; by eapply numbered_once.
Qed.

Definition open_ok : OpenMemory := mkOpenMemory true true true.

(** Open, send two priorities, pin, close and unlink the queue. *)
Definition witness_calls : list mq_call :=
  [COpen open_ok [113] (O_CREAT + 2) 0 4 16 true;
   CSend (Public MQD_BASE) true true [1] 3; CSend (Public MQD_BASE) true true [2] 9;
   CPin true MQD_BASE; CClose MQD_BASE; CUnlink [113]].

Lemma mq_witness_calls_ok c : In c witness_calls -> call_ok c.
Proof. intros [<-|[<-|[<-|[<-|[<-|[<-|[]]]]]]]; simpl; lia || done. Qed.

(** The queue and its descriptor go, the name is used again: the new queue and
    descriptor have other numbers. *)
Definition reopen_calls : list mq_call := [CClose MQD_BASE; CUnlink [113]].
Definition reopened_calls : list mq_call := [COpen open_ok [113] (O_CREAT + 2) 0 4 16 true].
Definition first_calls : list mq_call := [COpen open_ok [113] (O_CREAT + 2) 0 4 16 true].

Lemma mqueue_invariant_witness :
  wf (run_calls new witness_calls)
  /\ queues (run_calls new (first_calls ++ reopen_calls ++ reopened_calls)) !! 1 = None
  /\ is_Some (queues (run_calls new (first_calls ++ reopen_calls ++ reopened_calls)) !! 2).
Proof.
  split; [apply (mqueue_invariant witness_calls mq_witness_calls_ok)|]. split; [|vm_compute; by eexists].
  destruct (mqueue_invariant (first_calls ++ reopen_calls ++ reopened_calls)) as [_ H].
  - intros c [<-|[<-|[<-|[<-|[]]]]]; simpl; lia || done.
  - destruct (H first_calls reopen_calls reopened_calls 1 eq_refl) as [Hq _]. apply Hq; [vm_compute; by eexists|vm_compute; reflexivity].
Defined.

(** Priority order. A successful send puts the message behind every queued
    message of at least its priority and before all others, so messages of one
    priority leave in the order they arrived; a receive takes the first
    message, whose priority no queued message exceeds. *)
Theorem mq_priority_order t d q bytes prio buf : wf t -> resolve_descriptor t d = Ok q ->
  forall qu, queues t !! queue_id q = Some qu ->
  (forall m1 m2 t' n, mq_send_for t d m1 m2 bytes prio = (t', Ok n) ->
     exists l1 l2 qu', messages qu = l1 ++ l2 /\ queues t' !! queue_id q = Some qu'
       /\ messages qu' = l1 ++ mkMessage bytes prio :: l2
       /\ (forall x, In x l1 -> prio <= priority x) /\ (forall x, In x l2 -> priority x < prio))
  /\ (forall t' m, mq_receive_for t d buf = (t', Ok m) ->
     exists ms qu', messages qu = m :: ms /\ queues t' !! queue_id q = Some qu'
       /\ messages qu' = ms /\ (forall x, In x ms -> priority x <= priority m)
       /\ lenZ (data m) <= buf).
Proof.
  intros Hwf Hd qu Hq. pose proof (w_queue _ (wf_core _ Hwf) _ _ Hq) as [Hs Hl Hsz]. split.
  - intros m1 m2 t' n. unfold mq_send_for. rewrite Hd, Hq. simpl.
    destruct (_ =? O_RDONLY); [done|]. destruct (_ <? _); [done|]. destruct (_ <=? _); [done|].
    destruct m1, m2; try done. simpl. intros [= <- _].
    destruct (insert_message_split (mkMessage bytes prio) _ Hs) as (l1 & l2 & E1 & E2 & H1 & H2).
    exists l1, l2. eexists. split; [done|]. split; [simpl; by rewrite lookup_insert_eq|]. done.
  - intros t' m. unfold mq_receive_for. rewrite Hd, Hq. simpl.
    destruct (_ =? O_WRONLY); [done|]. destruct (Z.ltb_spec buf (msgsize qu)); [done|].
    destruct (messages qu) as [|m0 ms] eqn:Hm; [done|]. intros [= <- <-].
    exists ms. eexists. split; [done|]. split; [simpl; by rewrite lookup_insert_eq|]. split; [done|].
    apply StronglySorted_inv in Hs as [_ Hall]. rewrite List.Forall_forall in Hall. split; [done|].
    pose proof (Hsz m0 (or_introl eq_refl)). lia.
Qed.

Definition witness_t1 : MqueueTable := run_calls new (take 3 witness_calls).

Lemma witness_t1_wf : wf witness_t1.
Proof. apply run_calls_wf; [|apply mqueue_wf_new]. intros c Hc. apply mq_witness_calls_ok. simpl in *. tauto. Qed.

Lemma mq_priority_order_witness :
  exists ms qu', [mkMessage [2] 9; mkMessage [1] 3] = mkMessage [2] 9 :: ms
    /\ queues (fst (mq_receive_for witness_t1 (Public MQD_BASE) 16)) !! 1 = Some qu' /\ messages qu' = ms
    /\ (forall x, In x ms -> priority x <= 9) /\ 1 <= 16.
Proof.
  apply (proj2 (mq_priority_order witness_t1 (Public MQD_BASE) (mkDescriptor 1 2 false) [] 0 16
    witness_t1_wf ltac:(vm_compute; reflexivity) _ ltac:(vm_compute; reflexivity))).
  vm_compute. reflexivity.
Defined.

(** A pin outlives its descriptor and its name. After a successful pin,
    whatever calls follow (closing or reusing the descriptor, unlinking the
    name, creating a queue of the same name) short of releasing that pin, the
    capability still resolves to the descriptor policy it captured, and to the
    same queue object with the same limits. *)
Theorem pin_outlives_close_and_unlink t adm mqd t1 p cs : wf t ->
  pin_descriptor t adm mqd = (t1, Ok p) ->
  (forall c, In c cs -> call_ok c /\ keeps_pin (pin_id p) c) ->
  descriptors t !! mqd = Some (pinned_descriptor p)
  /\ resolve_descriptor (run_calls t1 cs) (Pinned p) = Ok (pinned_descriptor p)
  /\ descriptor_msgsize_for (run_calls t1 cs) (Pinned p) = descriptor_msgsize_for t (Public mqd).
Proof.
  intros Hwf Hpin Hcs. pose proof (pin_descriptor_wf _ _ _ _ _ Hwf Hpin) as Hwf1.
  unfold pin_descriptor, resolve_descriptor, ok_or in Hpin.
  destruct (descriptors t !! mqd) as [d|] eqn:Hd; [|done].
  destruct (next_free_pin_id t) as [[id next]|]; [|done]. destruct (prepare_io _ _ _); [|done].
  destruct (queues t !! queue_id d) as [q|] eqn:Hq; [|done].
  destruct (checked_add _ _ _) as [n|]; [|done]. injection Hpin as <- <-. cbn [pinned_descriptor pin_id] in *.
  split; [done|].
  destruct (run_calls_pin cs _ id (queue_id d) (with_counts q (linked q) (open_count q) n) Hwf1 Hcs)
    as (Hp & q' & Hq' & E1 & E2); [by simpl; rewrite lookup_insert_eq..|].
  set (tn := run_calls _ cs) in *.
  assert (resolve_descriptor tn (Pinned (mkPinned id d)) = Ok d) as Hres.
  { unfold resolve_descriptor. cbn [pin_id pinned_descriptor]. by rewrite bool_decide_eq_true_2. }
  split; [exact Hres|]. unfold descriptor_msgsize_for. rewrite Hres, Hq'. cbn [resolve_descriptor].
  rewrite Hd. cbn [ok_or option_map]. rewrite Hq. cbn [ok_or option_map]. by rewrite E1.
Qed.

Definition witness_pin : PinnedMqueueDescriptor := mkPinned 1 (mkDescriptor 1 2 false).

Lemma pin_outlives_close_and_unlink_witness :
  descriptors witness_t1 !! MQD_BASE = Some (pinned_descriptor witness_pin)
  /\ resolve_descriptor (run_calls (fst (pin_descriptor witness_t1 true MQD_BASE))
       [CClose MQD_BASE; CUnlink [113]; COpen open_ok [113] (O_CREAT + 2) 0 4 99 true])
       (Pinned witness_pin) = Ok (mkDescriptor 1 2 false)
  /\ descriptor_msgsize_for (run_calls (fst (pin_descriptor witness_t1 true MQD_BASE))
       [CClose MQD_BASE; CUnlink [113]; COpen open_ok [113] (O_CREAT + 2) 0 4 99 true])
       (Pinned witness_pin) = descriptor_msgsize_for witness_t1 (Public MQD_BASE).
Proof.
  apply (pin_outlives_close_and_unlink witness_t1 true MQD_BASE _ witness_pin
    [CClose MQD_BASE; CUnlink [113]; COpen open_ok [113] (O_CREAT + 2) 0 4 99 true] witness_t1_wf).
  - vm_compute. reflexivity.
  - intros c [<-|[<-|[<-|[]]]]; simpl; split; lia || done.
Defined.

(** Send. On a resolved descriptor a send fails, and changes nothing, with
    EBADF exactly when the descriptor is read-only, EMSGSIZE when the message
    is larger than the queue admits, EAGAIN when the queue is full, ENOMEM when
    a reservation is refused; otherwise it succeeds, and it takes the
    registered notification, once, exactly when the queue was empty. *)
Theorem mq_send_outcome t a m1 m2 bytes prio d q :
  resolve_descriptor t a = Ok d -> queues t !! queue_id d = Some q ->
  let out := mq_send_for t a m1 m2 bytes prio in
  if decide (access_mode d = O_RDONLY) then out = (t, Err EBADF)
  else if decide (msgsize q < lenZ bytes) then out = (t, Err EMSGSIZE)
  else if decide (maxmsg q <= lenZ (messages q)) then out = (t, Err EAGAIN)
  else if decide (m1 = true /\ m2 = true)
  then snd out = Ok (if decide (messages q = []) then notification q else None)
    /\ option_map notification (queues (fst out) !! queue_id d)
       = Some (if decide (messages q = []) then None else notification q)
  else out = (t, Err ENOMEM).
Proof.
  intros Hd Hq. unfold mq_send_for. rewrite Hd, Hq. cbn [ok_or].
  case_decide as H1; [by rewrite H1|]. rewrite (proj2 (Z.eqb_neq _ _) H1).
  case_decide as H2; [by rewrite (proj2 (Z.ltb_lt _ _) H2)|]. rewrite (proj2 (Z.ltb_ge _ _)) by lia.
  case_decide as H3; [by rewrite (proj2 (Z.leb_le _ _) H3)|]. rewrite (proj2 (Z.leb_gt _ _)) by lia.
  case_decide as H4.
  - destruct H4 as [-> ->]. simpl. rewrite lookup_insert_eq. simpl.
    destruct (decide (messages q = [])) as [He|Hne].
    + by rewrite bool_decide_eq_true_2.
    + by rewrite bool_decide_eq_false_2.
  - destruct m1, m2; simpl; try done. tauto.
Qed.

Lemma mq_send_outcome_witness :
  mq_send_for witness_t1 (Public MQD_BASE) true true (replicate 20 7) 0 = (witness_t1, Err EMSGSIZE).
Proof.
  apply (mq_send_outcome witness_t1 (Public MQD_BASE) true true (replicate 20 7) 0
    (mkDescriptor 1 2 false) _ ltac:(vm_compute; reflexivity) ltac:(vm_compute; reflexivity)).
Defined.
