(* ===== verification/Ipc.v ===== *)
(** * SysV IPC (crates/runtime-core/src/ipc.rs)

    Message queues, semaphore sets and shared memory segments. Message queues
    and semaphore sets share their identity, ownership and pinning machinery:
    a record [Object] carries the fields both structs have, its [body] the
    rest. The clock is the argument [now]; the outcome of a reservation of
    memory is a boolean argument. *)

From S2P Require Import Prelude.

Definition IPC_CREAT : Z := 512.
Definition IPC_EXCL : Z := 1024.
Definition IPC_NOWAIT : Z := 2048.
Definition IPC_PRIVATE : Z := 0.
Definition IPC_R : Z := 256.
Definition IPC_W : Z := 128.
Definition IPC_PERM_MASK : Z := 511.
Definition SHM_RDONLY : Z := 4096.
Definition MSG_NOERROR : Z := 4096.
Definition MSG_EXCEPT : Z := 8192.
Definition MSGMNB : Z := 16384.
Definition SEMMSL : Z := 32.
(** [platform_limits::SYSV_MSG_MAX_BYTES] of crates/shared. *)
Definition SYSV_MSG_MAX_BYTES : Z := 8192.

(** ** Permissions *)

Definition ipc_has_perm (uid gid owner_uid owner_gid mode perm : Z) : bool :=
  if (uid =? 0) || (perm =? 0) then true
  else
    let available :=
      if uid =? owner_uid then Z.land (Z.shiftr mode 6) 7
      else if gid =? owner_gid then Z.land (Z.shiftr mode 3) 7
      else Z.land mode 7 in
    let requested := Z.land (Z.shiftr perm 6) 7 in
    Z.land available requested =? requested.

Definition ipc_check_perm (uid gid owner_uid owner_gid mode perm : Z) : result unit :=
  if ipc_has_perm uid gid owner_uid owner_gid mode perm then Ok tt else Err EACCES.

Definition ipc_check_owner (uid owner_uid creator_uid : Z) : result unit :=
  if (uid =? 0) || (uid =? owner_uid) || (uid =? creator_uid) then Ok tt else Err EPERM.

(** ** Objects *)

Record Object (B : Type) : Type := mkObject {
  key : Z; id : Z; generation : Z; active_pins : Z; removed : bool;
  mode : Z; uid : Z; gid : Z; cuid : Z; cgid : Z; ctime : Z; seq : Z;
  body : B;
}.
Arguments mkObject {B} key id generation active_pins removed mode uid gid cuid cgid ctime seq body.
Arguments key {B} _. Arguments id {B} _. Arguments generation {B} _. Arguments active_pins {B} _.
Arguments removed {B} _. Arguments mode {B} _. Arguments uid {B} _. Arguments gid {B} _.
Arguments cuid {B} _. Arguments cgid {B} _. Arguments ctime {B} _. Arguments seq {B} _.
Arguments body {B} _.

Record MsgEntry : Type := mkMsg { mtype : Z; mdata : list Z }.

Record MsgBody : Type := mkMsgBody {
  qbytes : Z; messages : list MsgEntry; cbytes : Z;
  lspid : Z; lrpid : Z; stime : Z; rtime : Z;
}.

Record SemValue : Type := mkSem { val : Z; pid : Z; ncnt : Z; zcnt : Z }.
Record SemBody : Type := mkSemBody { nsems : Z; values : list SemValue; otime : Z }.

Definition MsgQueue : Type := Object MsgBody.
Definition SemSet : Type := Object SemBody.

Record SemOp : Type := mkSemOp { num : Z; sop : Z; flg : Z }.

Record ShmSegment : Type := mkShm {
  shm_key : Z; shm_id : Z; shm_mode : Z; shm_uid : Z; shm_gid : Z; shm_cuid : Z; shm_cgid : Z;
  segsz : Z; shm_data : list Z; cpid : Z; lpid : Z; nattch : Z;
  atime : Z; dtime : Z; shm_ctime : Z; shm_seq : Z;
}.

(** The live objects by public id, the removed but still pinned ones by
    generation, and the pins with the generation each retains. *)
Record Pool (B : Type) : Type := mkPool {
  live : gmap Z (Object B);
  tombs : gmap Z (Object B);
  pins : gmap Z Z;
}.
Arguments mkPool {B} live tombs pins.
Arguments live {B} _. Arguments tombs {B} _. Arguments pins {B} _.

Record IpcTable : Type := mkIpc {
  msg : Pool MsgBody;
  sem : Pool SemBody;
  shm : gmap Z ShmSegment;
  next_id : Z;
  next_generation : Z;
  next_pin_id : option Z;
}.

Definition new : IpcTable :=
  mkIpc (mkPool ∅ ∅ ∅) (mkPool ∅ ∅ ∅) ∅ 0 1 (Some 1).

(** A capability: [PinnedMsgQueue] and [PinnedSemSet]. *)
Record Pin : Type := mkPin { pin_id : Z; public_id : Z; pin_generation : Z }.

Definition set_msg (t : IpcTable) (p : Pool MsgBody) : IpcTable :=
  mkIpc p (sem t) (shm t) (next_id t) (next_generation t) (next_pin_id t).
Definition set_sem (t : IpcTable) (p : Pool SemBody) : IpcTable :=
  mkIpc (msg t) p (shm t) (next_id t) (next_generation t) (next_pin_id t).
Definition set_shm (t : IpcTable) (s : gmap Z ShmSegment) : IpcTable :=
  mkIpc (msg t) (sem t) s (next_id t) (next_generation t) (next_pin_id t).
Definition set_live {B} (p : Pool B) (m : gmap Z (Object B)) : Pool B := mkPool m (tombs p) (pins p).

Definition with_pins {B} (o : Object B) (n : Z) : Object B :=
  mkObject (key o) (id o) (generation o) n (removed o) (mode o) (uid o) (gid o) (cuid o) (cgid o)
    (ctime o) (seq o) (body o).
Definition with_removed {B} (o : Object B) : Object B :=
  mkObject (key o) (id o) (generation o) (active_pins o) true (mode o) (uid o) (gid o) (cuid o)
    (cgid o) (ctime o) (seq o) (body o).
Definition with_body {B} (o : Object B) (b : B) : Object B :=
  mkObject (key o) (id o) (generation o) (active_pins o) (removed o) (mode o) (uid o) (gid o)
    (cuid o) (cgid o) (ctime o) (seq o) b.
Definition with_ctime {B} (o : Object B) (c : Z) : Object B :=
  mkObject (key o) (id o) (generation o) (active_pins o) (removed o) (mode o) (uid o) (gid o)
    (cuid o) (cgid o) c (seq o) (body o).

(** ** Identities *)

(** A public id names at most one live object of any kind. *)
Definition public_id_in_use (t : IpcTable) (i : Z) : bool :=
  bool_decide (is_Some (live (msg t) !! i)) || bool_decide (is_Some (live (sem t) !! i))
  || bool_decide (is_Some (shm t !! i)).

Fixpoint scan_id (t : IpcTable) (max_id : Z) (rounds : nat) (candidate : Z) : result (Z * Z) :=
  match rounds with
  | O => Err ENOSPC
  | S rounds' =>
      let next := if candidate =? max_id then 0 else candidate + 1 in
      if public_id_in_use t candidate then scan_id t max_id rounds' next else Ok (candidate, next)
  end.

Definition live_count (t : IpcTable) : nat :=
  (size (live (msg t)) + size (live (sem t)) + size (shm t))%nat.

(** The source loops [max_id + 1] times; one round more than there are live
    objects always reaches a free id first ([next_free_id_spec]). *)
Definition next_free_id_bounded (t : IpcTable) (max_id : Z) : result (Z * Z) :=
  if max_id <? 0 then Err ENOSPC
  else
    let candidate := if (0 <=? next_id t) && (next_id t <=? max_id) then next_id t else 0 in
    scan_id t max_id (Z.to_nat (Z.min (max_id + 1) (Z.of_nat (live_count t) + 1))) candidate.

Definition next_free_id (t : IpcTable) : result (Z * Z) := next_free_id_bounded t i32_max.

Definition next_free_generation (t : IpcTable) : result (Z * Z) :=
  let? next := ok_or (checked_add u64_max (next_generation t) 1) ENOSPC in
  Ok (next_generation t, next).

Definition next_free_pin_id (t : IpcTable) : result (Z * option Z) :=
  let? candidate := ok_or (next_pin_id t) EOVERFLOW in
  let used := (pins (msg t) : gmap Z Z) ∪ pins (sem t) in
  let? i := scan_free used u64_max EOVERFLOW (S (size used)) candidate in
  Ok (i, if i + 1 <=? u64_max then Some (i + 1) else None).

(** ** Pins, for queues and semaphore sets alike *)

Section Pins.
Context {B : Type}.

(** [pin_msg_queue] and [pin_sem_set]. *)
Definition pin_object (p : Pool B) (fresh : result (Z * option Z)) (admitted : bool) (pub : Z)
    : Pool B * result (Pin * option Z) :=
  let? g := ok_or (option_map generation (live p !! pub)) EINVAL orelse p in
  let? (i, next) := fresh orelse p in
  let? _ := prepare_io (pins p) admitted i orelse p in
  let? o := ok_or (live p !! pub) EINVAL orelse p in
  let? n := ok_or (checked_add usize_max (active_pins o) 1) EOVERFLOW orelse p in
  (mkPool (<[pub := with_pins o n]> (live p)) (tombs p) (<[i := g]> (pins p)),
   Ok (mkPin i pub g, next)).

(** The tombstone half of a release. *)
Definition release_tomb (p : Pool B) (pin : Pin) : Pool B * result unit :=
  let? o := ok_or (tombs p !! pin_generation pin) EINVAL orelse p in
  if negb (id o =? public_id pin) || negb (removed o) then (p, Err EINVAL)
  else
    let? n := ok_or (checked_sub (active_pins o) 1) EINVAL orelse p in
    (mkPool (live p)
       (if n =? 0 then delete (pin_generation pin) (tombs p)
        else <[pin_generation pin := with_pins o n]> (tombs p))
       (delete (pin_id pin) (pins p)), Ok tt).

(** [release_msg_queue_pin] and [release_sem_set_pin]. *)
Definition release_pin (p : Pool B) (pin : Pin) : Pool B * result unit :=
  if negb (bool_decide (pins p !! pin_id pin = Some (pin_generation pin))) then (p, Err EINVAL)
  else match live p !! public_id pin with
       | Some o =>
           if generation o =? pin_generation pin then
             let? n := ok_or (checked_sub (active_pins o) 1) EINVAL orelse p in
             (mkPool (<[public_id pin := with_pins o n]> (live p)) (tombs p)
                (delete (pin_id pin) (pins p)), Ok tt)
           else release_tomb p pin
       | None => release_tomb p pin
       end.

(** [live_msg_queue_for_pin_mut] and [live_sem_set_for_pin_mut]. *)
Definition live_for_pin (p : Pool B) (pin : Pin) : result (Object B) :=
  if negb (bool_decide (pins p !! pin_id pin = Some (pin_generation pin))) then Err EIDRM
  else match live p !! public_id pin with
       | Some o => if generation o =? pin_generation pin then Ok o else Err EIDRM
       | None => Err EIDRM
       end.

(** The IPC_RMID branch of [msgctl] and [semctl]. *)
Definition remove_object (p : Pool B) (pub caller : Z) : Pool B * result unit :=
  let? o := ok_or (live p !! pub) EINVAL orelse p in
  let? _ := ipc_check_owner caller (uid o) (cuid o) orelse p in
  let o := with_removed o in
  (mkPool (delete pub (live p))
     (if active_pins o =? 0 then tombs p else <[generation o := o]> (tombs p)) (pins p), Ok tt).

(** The search by key of the [*get] calls; keys are unique ([key_unique]). *)
Definition find_key (m : gmap Z (Object B)) (k : Z) : option (Object B) :=
  option_map snd (List.find (fun kv => key (snd kv) =? k) (map_to_list m)).

(** Replace a live object and rebuild the pool. *)
Definition update_live (p : Pool B) (pub : Z) (o : Object B) : Pool B :=
  set_live p (<[pub := o]> (live p)).
End Pins.

Definition lift_pin {B} (set : Pool B -> IpcTable) (r : Pool B * result (Pin * option Z))
    : IpcTable * result Pin :=
  let '(p, res) := r in
  match res with
  | Ok (pin, next) =>
      let t := set p in
      (mkIpc (msg t) (sem t) (shm t) (next_id t) (next_generation t) next, Ok pin)
  | Err e => (set p, Err e)
  end.

Definition pin_msg_queue (t : IpcTable) (admitted : bool) (qid : Z) : IpcTable * result Pin :=
  lift_pin (set_msg t) (pin_object (msg t) (next_free_pin_id t) admitted qid).
Definition pin_sem_set (t : IpcTable) (admitted : bool) (semid : Z) : IpcTable * result Pin :=
  lift_pin (set_sem t) (pin_object (sem t) (next_free_pin_id t) admitted semid).

Definition release_msg_queue_pin (t : IpcTable) (pin : Pin) : IpcTable * result unit :=
  let '(p, r) := release_pin (msg t) pin in (set_msg t p, r).
Definition release_sem_set_pin (t : IpcTable) (pin : Pin) : IpcTable * result unit :=
  let '(p, r) := release_pin (sem t) pin in (set_sem t p, r).

(** ** Message queues *)

Definition msgget (t : IpcTable) (admitted : bool) (now k flags caller_uid caller_gid : Z)
    : IpcTable * result Z :=
  let creating := has_flag flags IPC_CREAT in
  let exclusive := has_flag flags IPC_EXCL in
  match (if k =? IPC_PRIVATE then None else find_key (live (msg t)) k) with
  | Some q =>
      if creating && exclusive then (t, Err EEXIST)
      else
        let? _ := ipc_check_perm caller_uid caller_gid (uid q) (gid q) (mode q)
                    (Z.land flags IPC_PERM_MASK) orelse t in
        (t, Ok (id q))
  | None =>
      if negb creating && negb (k =? IPC_PRIVATE) then (t, Err ENOENT)
      else
        let? (i, next) := next_free_id t orelse t in
        let? (g, next_g) := next_free_generation t orelse t in
        let? _ := prepare_io (live (msg t)) admitted i orelse t in
        let q := mkObject k i g 0 false (Z.land flags 511) caller_uid caller_gid caller_uid
                   caller_gid now i (mkMsgBody MSGMNB [] 0 0 0 0 0) in
        (mkIpc (update_live (msg t) i q) (sem t) (shm t) next next_g (next_pin_id t), Ok i)
  end.

(** [msgsnd_queue_with_reserve]. *)
Definition msgsnd_queue (q : MsgQueue) (now mt : Z) (data : list Z) (sender caller_uid caller_gid : Z)
    (mem_message mem_slot : bool) : MsgQueue * result unit :=
  let b := body q in
  let? _ := ipc_check_perm caller_uid caller_gid (uid q) (gid q) (mode q) IPC_W orelse q in
  if SYSV_MSG_MAX_BYTES <? lenZ data then (q, Err EINVAL)
  else
    let? next_cbytes := ok_or (checked_add u32_max (cbytes b) (lenZ data)) EAGAIN orelse q in
    if qbytes b <? next_cbytes then (q, Err EAGAIN)
    else if negb mem_message then (q, Err ENOMEM)
    else if negb mem_slot then (q, Err ENOMEM)
    else
      (with_body q (mkMsgBody (qbytes b) (messages b ++ [mkMsg mt data]) next_cbytes
                      (as_i32 sender) (lrpid b) now (rtime b)), Ok tt).

(** Run a queue operation on the queue found, and store it back. *)
Definition on_msg {A} (t : IpcTable) (pub : Z) (found : result MsgQueue)
    (f : MsgQueue -> MsgQueue * result A) : IpcTable * result A :=
  let? q := found orelse t in
  let '(q', r) := f q in (set_msg t (update_live (msg t) pub q'), r).

Definition msgsnd (t : IpcTable) (qid now mt : Z) (data : list Z) (sender caller_uid caller_gid : Z)
    (mem_message mem_slot : bool) : IpcTable * result unit :=
  if mt <=? 0 then (t, Err EINVAL)
  else on_msg t qid (ok_or (live (msg t) !! qid) EINVAL)
         (fun q => msgsnd_queue q now mt data sender caller_uid caller_gid mem_message mem_slot).

Definition msgsnd_pinned (t : IpcTable) (pin : Pin) (now mt : Z) (data : list Z)
    (sender caller_uid caller_gid : Z) (mem_message mem_slot : bool) : IpcTable * result unit :=
  let? q := live_for_pin (msg t) pin orelse t in
  if mt <=? 0 then (t, Err EINVAL)
  else on_msg t (public_id pin) (Ok q)
         (fun q => msgsnd_queue q now mt data sender caller_uid caller_gid mem_message mem_slot).

(** The message a receive selects. *)
Definition select_message (ms : list MsgEntry) (msgtype : Z) (except : bool) : option nat :=
  if msgtype =? 0 then (if bool_decide (ms = []) then None else Some 0%nat)
  else if 0 <? msgtype then
    (if except then position (fun m => negb (mtype m =? msgtype)) ms
     else position (fun m => mtype m =? msgtype) ms)
  else
    let abs_type := Z.min (Z.abs msgtype) i64_max in
    position (fun m => mtype m <=? abs_type) ms.

(** [msgrcv_queue_with_mtype_max]; the index selected is always in range. *)
Definition msgrcv_queue (q : MsgQueue) (now max_size msgtype max_output_mtype flags receiver
    caller_uid caller_gid : Z) : MsgQueue * result MsgEntry :=
  let b := body q in
  let? _ := ipc_check_perm caller_uid caller_gid (uid q) (gid q) (mode q) IPC_R orelse q in
  let noerror := has_flag flags MSG_NOERROR in
  let except := has_flag flags MSG_EXCEPT in
  match (idx ← select_message (messages b) msgtype except; m ← messages b !! idx; Some (idx, m)) with
  | None => (q, Err (if has_flag flags IPC_NOWAIT then ENOMSG else EAGAIN))
  | Some (idx, m) =>
      if max_output_mtype <? mtype m then (q, Err EOVERFLOW)
      else if (max_size <? lenZ (mdata m)) && negb noerror then (q, Err E2BIG)
      else
        (with_body q (mkMsgBody (qbytes b) (remove_at idx (messages b))
           (saturating_sub (cbytes b) (as_u32 (lenZ (mdata m)))) (lspid b) (as_i32 receiver)
           (stime b) now),
         Ok (mkMsg (mtype m) (take (Z.to_nat (Z.min (lenZ (mdata m)) max_size)) (mdata m))))
  end.

Definition msgrcv (t : IpcTable) (qid now max_size msgtype max_output_mtype flags receiver
    caller_uid caller_gid : Z) : IpcTable * result MsgEntry :=
  on_msg t qid (ok_or (live (msg t) !! qid) EINVAL)
    (fun q => msgrcv_queue q now max_size msgtype max_output_mtype flags receiver caller_uid caller_gid).

Definition msgrcv_pinned (t : IpcTable) (pin : Pin) (now max_size msgtype max_output_mtype flags
    receiver caller_uid caller_gid : Z) : IpcTable * result MsgEntry :=
  on_msg t (public_id pin) (live_for_pin (msg t) pin)
    (fun q => msgrcv_queue q now max_size msgtype max_output_mtype flags receiver caller_uid caller_gid).

Definition msgctl_rmid (t : IpcTable) (qid caller_uid : Z) : IpcTable * result unit :=
  let '(p, r) := remove_object (msg t) qid caller_uid in (set_msg t p, r).

Definition msgctl_set (t : IpcTable) (now qid new_uid new_gid new_mode new_qbytes caller_uid : Z)
    : IpcTable * result unit :=
  on_msg t qid (ok_or (live (msg t) !! qid) EINVAL) (fun q =>
    let b := body q in
    let? _ := ipc_check_owner caller_uid (uid q) (cuid q) orelse q in
    if (MSGMNB <? new_qbytes) && negb (caller_uid =? 0) then (q, Err EPERM)
    else
      (mkObject (key q) (id q) (generation q) (active_pins q) (removed q)
         (Z.land new_mode IPC_PERM_MASK) new_uid new_gid (cuid q) (cgid q) now (seq q)
         (mkMsgBody new_qbytes (messages b) (cbytes b) (lspid b) (lrpid b) (stime b) (rtime b)),
       Ok tt)).

(** ** Control commands *)

Definition IPC_RMID : Z := 0.
Definition IPC_SET : Z := 1.
Definition IPC_STAT : Z := 2.
Definition GETPID : Z := 11.
Definition GETVAL : Z := 12.
Definition GETALL : Z := 13.
Definition GETNCNT : Z := 14.
Definition GETZCNT : Z := 15.
Definition SETVAL : Z := 16.
Definition SETALL : Z := 17.

Record MsgQueueInfo : Type := mkMsgInfo {
  i_key : Z; i_uid : Z; i_gid : Z; i_cuid : Z; i_cgid : Z; i_mode : Z; i_seq : Z;
  i_stime : Z; i_rtime : Z; i_ctime : Z; i_cbytes : Z; i_qnum : Z; i_qbytes : Z;
  i_lspid : Z; i_lrpid : Z;
}.

Definition msg_info (q : MsgQueue) : MsgQueueInfo :=
  let b := body q in
  mkMsgInfo (key q) (uid q) (gid q) (cuid q) (cgid q) (mode q) (seq q) (stime b) (rtime b)
    (ctime q) (cbytes b) (as_u32 (lenZ (messages b))) (qbytes b) (lspid b) (lrpid b).

Definition msgctl (t : IpcTable) (qid cmd caller_uid caller_gid : Z)
    : IpcTable * result (option MsgQueueInfo) :=
  if cmd =? IPC_STAT then
    let? q := ok_or (live (msg t) !! qid) EINVAL orelse t in
    let? _ := ipc_check_perm caller_uid caller_gid (uid q) (gid q) (mode q) IPC_R orelse t in
    (t, Ok (Some (msg_info q)))
  else if cmd =? IPC_RMID then
    let '(t, r) := msgctl_rmid t qid caller_uid in
    let? _ := r orelse t in (t, Ok None)
  else (t, Err EINVAL).

(** ** Semaphores *)

Definition semget (t : IpcTable) (mem_values admitted : bool) (now k n flags caller_uid caller_gid : Z)
    : IpcTable * result Z :=
  let creating := has_flag flags IPC_CREAT in
  let exclusive := has_flag flags IPC_EXCL in
  match (if k =? IPC_PRIVATE then None else find_key (live (sem t)) k) with
  | Some s =>
      if creating && exclusive then (t, Err EEXIST)
      else
        let? _ := ipc_check_perm caller_uid caller_gid (uid s) (gid s) (mode s)
                    (Z.land flags IPC_PERM_MASK) orelse t in
        (t, Ok (id s))
  | None =>
      if negb creating && negb (k =? IPC_PRIVATE) then (t, Err ENOENT)
      else if (n =? 0) || (SEMMSL <? n) then (t, Err EINVAL)
      else
        let? (i, next) := next_free_id t orelse t in
        let? (g, next_g) := next_free_generation t orelse t in
        if negb mem_values then (t, Err ENOMEM)
        else
          let vs := replicate (Z.to_nat n) (mkSem 0 0 0 0) in
          let? _ := prepare_io (live (sem t)) admitted i orelse t in
          let s := mkObject k i g 0 false (Z.land flags 511) caller_uid caller_gid caller_uid
                     caller_gid now i (mkSemBody n vs 0) in
          (mkIpc (msg t) (update_live (sem t) i s) (shm t) next next_g (next_pin_id t), Ok i)
  end.

(** [perm |= ...] over the operations. *)
Definition semop_perm (sops : list SemOp) : Z :=
  fold_left (fun perm op => Z.lor perm (if sop op =? 0 then IPC_R else IPC_W)) sops 0.

(** The first pass: the error of the first operation that cannot proceed, each
    judged against the values before the call. *)
Fixpoint semop_validate (b : SemBody) (sops : list SemOp) : result unit :=
  match sops with
  | [] => Ok tt
  | op :: rest =>
      match (if nsems b <=? num op then None else values b !! Z.to_nat (num op)) with
      | None => Err EFBIG
      | Some cur =>
          if (sop op <? 0) && (val cur + sop op <? 0) then Err EAGAIN
          else if (sop op =? 0) && negb (val cur =? 0) then Err EAGAIN
          else semop_validate b rest
      end
  end.

(** The second pass: [((sem.val as i32) + (op.op as i32)) as u16]. *)
Definition semop_apply_one (caller : Z) (vs : list SemValue) (op : SemOp) : list SemValue :=
  alter (fun s => mkSem (if sop op =? 0 then val s else as_u16 (val s + sop op)) caller
                    (ncnt s) (zcnt s)) (Z.to_nat (num op)) vs.

Definition semop_apply (caller : Z) (vs : list SemValue) (sops : list SemOp) : list SemValue :=
  fold_left (semop_apply_one caller) sops vs.

Definition semop_set (s : SemSet) (now : Z) (sops : list SemOp) (caller caller_uid caller_gid : Z)
    : SemSet * result unit :=
  let b := body s in
  let? _ := ipc_check_perm caller_uid caller_gid (uid s) (gid s) (mode s) (semop_perm sops) orelse s in
  let? _ := semop_validate b sops orelse s in
  (with_body s (mkSemBody (nsems b) (semop_apply caller (values b) sops) now), Ok tt).

Definition on_sem {A} (t : IpcTable) (pub : Z) (found : result SemSet)
    (f : SemSet -> SemSet * result A) : IpcTable * result A :=
  let? s := found orelse t in
  let '(s', r) := f s in (set_sem t (update_live (sem t) pub s'), r).

Definition semop (t : IpcTable) (semid now : Z) (sops : list SemOp) (caller caller_uid caller_gid : Z)
    : IpcTable * result unit :=
  on_sem t semid (ok_or (live (sem t) !! semid) EINVAL)
    (fun s => semop_set s now sops caller caller_uid caller_gid).

Definition semop_pinned (t : IpcTable) (pin : Pin) (now : Z) (sops : list SemOp)
    (caller caller_uid caller_gid : Z) : IpcTable * result unit :=
  on_sem t (public_id pin) (live_for_pin (sem t) pin)
    (fun s => semop_set s now sops caller caller_uid caller_gid).

Record SemSetInfo : Type := mkSemInfo {
  s_key : Z; s_uid : Z; s_gid : Z; s_cuid : Z; s_cgid : Z; s_mode : Z; s_seq : Z;
  s_nsems : Z; s_otime : Z; s_ctime : Z;
}.

Definition sem_info (s : SemSet) : SemSetInfo :=
  mkSemInfo (key s) (uid s) (gid s) (cuid s) (cgid s) (mode s) (seq s) (nsems (body s))
    (otime (body s)) (ctime s).

Inductive SemCtlResult : Type :=
  | SemOk
  | SemValueOf (v : Z)
  | SemStat (info : SemSetInfo)
  | SemAll (vals : list Z).

(** A read of one semaphore: permission, then range, then the field. *)
Definition sem_get (t : IpcTable) (semid semnum caller_uid caller_gid : Z) (f : SemValue -> Z)
    : IpcTable * result SemCtlResult :=
  let? s := ok_or (live (sem t) !! semid) EINVAL orelse t in
  let? _ := ipc_check_perm caller_uid caller_gid (uid s) (gid s) (mode s) IPC_R orelse t in
  if (semnum <? 0) || (nsems (body s) <=? semnum) then (t, Err EINVAL)
  else
    let? v := ok_or (values (body s) !! Z.to_nat semnum) EINVAL orelse t in
    (t, Ok (SemValueOf (f v))).

Definition sem_setval (now semnum arg caller_uid caller_gid : Z) (s : SemSet)
    : SemSet * result SemCtlResult :=
  let b := body s in
  let? _ := ipc_check_perm caller_uid caller_gid (uid s) (gid s) (mode s) IPC_W orelse s in
  if (semnum <? 0) || (nsems b <=? semnum) then (s, Err EINVAL)
  else if (arg <? 0) || (32767 <? arg) then (s, Err ERANGE)
  else
    (with_ctime (with_body s (mkSemBody (nsems b)
       (alter (fun v => mkSem (as_u16 arg) (pid v) (ncnt v) (zcnt v)) (Z.to_nat semnum) (values b))
       (otime b))) now, Ok SemOk).

Definition semctl (t : IpcTable) (mem_all : bool) (now semid semnum cmd arg caller_uid caller_gid : Z)
    : IpcTable * result SemCtlResult :=
  let found := ok_or (live (sem t) !! semid) EINVAL in
  if cmd =? IPC_STAT then
    let? s := found orelse t in
    let? _ := ipc_check_perm caller_uid caller_gid (uid s) (gid s) (mode s) IPC_R orelse t in
    (t, Ok (SemStat (sem_info s)))
  else if cmd =? IPC_RMID then
    let '(p, r) := remove_object (sem t) semid caller_uid in
    let? _ := r orelse set_sem t p in (set_sem t p, Ok SemOk)
  else if cmd =? IPC_SET then
    on_sem t semid found (fun s =>
      let? _ := ipc_check_owner caller_uid (uid s) (cuid s) orelse s in
      (with_ctime s now, Ok SemOk))
  else if cmd =? GETVAL then sem_get t semid semnum caller_uid caller_gid val
  else if cmd =? SETVAL then on_sem t semid found (sem_setval now semnum arg caller_uid caller_gid)
  else if cmd =? GETALL then
    let? s := found orelse t in
    let? _ := ipc_check_perm caller_uid caller_gid (uid s) (gid s) (mode s) IPC_R orelse t in
    if mem_all then (t, Ok (SemAll (map val (values (body s))))) else (t, Err ENOMEM)
  else if cmd =? GETPID then
    sem_get t semid semnum caller_uid caller_gid (fun v => as_i32 (pid v))
  else if cmd =? GETNCNT then
    sem_get t semid semnum caller_uid caller_gid (fun v => as_i32 (ncnt v))
  else if cmd =? GETZCNT then
    sem_get t semid semnum caller_uid caller_gid (fun v => as_i32 (zcnt v))
  else (t, Err EINVAL).

Definition semctl_array_bytes (t : IpcTable) (semid cmd caller_uid caller_gid : Z) : result Z :=
  let? s := ok_or (live (sem t) !! semid) EINVAL in
  let? permission := (if cmd =? GETALL then Ok IPC_R else if cmd =? SETALL then Ok IPC_W
                      else Err EINVAL) in
  let? _ := ipc_check_perm caller_uid caller_gid (uid s) (gid s) (mode s) permission in
  ok_or (checked_mul usize_max (lenZ (values (body s))) 2) EOVERFLOW.

(** [s.values[i].val = v] for every element. *)
Definition set_vals (vs : list SemValue) (new : list Z) : list SemValue :=
  zip_with (fun s v => mkSem v (pid s) (ncnt s) (zcnt s)) vs new.

Definition semctl_set_all (t : IpcTable) (now semid : Z) (vals : list Z) (caller_uid caller_gid : Z)
    : IpcTable * result unit :=
  on_sem t semid (ok_or (live (sem t) !! semid) EINVAL) (fun s =>
    let b := body s in
    let? _ := ipc_check_perm caller_uid caller_gid (uid s) (gid s) (mode s) IPC_W orelse s in
    if negb (lenZ vals =? nsems b) then (s, Err EINVAL)
    else (with_ctime (with_body s (mkSemBody (nsems b) (set_vals (values b) vals) (otime b))) now, Ok tt)).

(** [chunks_exact(2)] with [u16::from_le_bytes]. *)
Fixpoint le_u16s (bytes : list Z) : list Z :=
  match bytes with
  | lo :: hi :: rest => (lo + 256 * hi) :: le_u16s rest
  | _ => []
  end.

Definition semctl_set_all_bytes (t : IpcTable) (mem : bool) (now semid : Z) (bytes : list Z)
    (caller_uid caller_gid : Z) : IpcTable * result unit :=
  let? expected := semctl_array_bytes t semid SETALL caller_uid caller_gid orelse t in
  if negb (lenZ bytes =? expected) then (t, Err EINVAL)
  else if negb mem then (t, Err ENOMEM)
  else semctl_set_all t now semid (le_u16s bytes) caller_uid caller_gid.

(** ** Shared memory *)

Definition find_shm_key (m : gmap Z ShmSegment) (k : Z) : option ShmSegment :=
  option_map snd (List.find (fun kv => shm_key (snd kv) =? k) (map_to_list m)).

Definition shmget (t : IpcTable) (mem_data admitted : bool) (now k sz flags creator caller_uid caller_gid : Z)
    : IpcTable * result Z :=
  let creating := has_flag flags IPC_CREAT in
  let exclusive := has_flag flags IPC_EXCL in
  match (if k =? IPC_PRIVATE then None else find_shm_key (shm t) k) with
  | Some g =>
      if creating && exclusive then (t, Err EEXIST)
      else
        let? _ := ipc_check_perm caller_uid caller_gid (shm_uid g) (shm_gid g) (shm_mode g)
                    (Z.land flags IPC_PERM_MASK) orelse t in
        (t, Ok (shm_id g))
  | None =>
      if negb creating && negb (k =? IPC_PRIVATE) then (t, Err ENOENT)
      else if sz =? 0 then (t, Err EINVAL)
      else
        let? (i, next) := next_free_id t orelse t in
        if negb mem_data then (t, Err ENOMEM)
        else
          let? _ := prepare_io (shm t) admitted i orelse t in
          let g := mkShm k i (Z.land flags 511) caller_uid caller_gid caller_uid caller_gid sz
                     (replicate (Z.to_nat sz) 0) (as_i32 creator) 0 0 0 0 now i in
          (mkIpc (msg t) (sem t) (<[i := g]> (shm t)) next (next_generation t) (next_pin_id t), Ok i)
  end.

Definition with_attach (g : ShmSegment) (last n at_ dt : Z) : ShmSegment :=
  mkShm (shm_key g) (shm_id g) (shm_mode g) (shm_uid g) (shm_gid g) (shm_cuid g) (shm_cgid g)
    (segsz g) (shm_data g) (cpid g) last n at_ dt (shm_ctime g) (shm_seq g).
Definition with_data (g : ShmSegment) (d : list Z) : ShmSegment :=
  mkShm (shm_key g) (shm_id g) (shm_mode g) (shm_uid g) (shm_gid g) (shm_cuid g) (shm_cgid g)
    (segsz g) d (cpid g) (lpid g) (nattch g) (atime g) (dtime g) (shm_ctime g) (shm_seq g).

(** [shmat]; the attach count is a [u32] and wraps in a release build. *)
Definition shmat (t : IpcTable) (now shmid caller flags caller_uid caller_gid : Z) : IpcTable * result Z :=
  let? g := ok_or (shm t !! shmid) EINVAL orelse t in
  let perm := if has_flag flags SHM_RDONLY then IPC_R else Z.lor IPC_R IPC_W in
  let? _ := ipc_check_perm caller_uid caller_gid (shm_uid g) (shm_gid g) (shm_mode g) perm orelse t in
  (set_shm t (<[shmid := with_attach g (as_i32 caller) (wrapping_add 32 (nattch g) 1) now (dtime g)]>
                (shm t)), Ok (segsz g)).

Definition shmdt (t : IpcTable) (now shmid caller : Z) : IpcTable * result unit :=
  let? g := ok_or (shm t !! shmid) EINVAL orelse t in
  (set_shm t (<[shmid := with_attach g (as_i32 caller) (saturating_sub (nattch g) 1) (atime g) now]>
                (shm t)), Ok tt).

(** The bytes copied into a buffer of [n] bytes. *)
Definition shm_read_chunk (t : IpcTable) (shmid offset : Z) (n : nat) : result (list Z) :=
  let? g := ok_or (shm t !! shmid) EINVAL in
  if lenZ (shm_data g) <=? offset then Ok []
  else Ok (take n (drop (Z.to_nat offset) (shm_data g))).

Definition shm_write_chunk (t : IpcTable) (shmid offset : Z) (data : list Z) : IpcTable * result Z :=
  let? g := ok_or (shm t !! shmid) EINVAL orelse t in
  if lenZ (shm_data g) <=? offset then (t, Ok 0)
  else
    let start := Z.to_nat offset in
    let len := Nat.min (length data) (length (shm_data g) - start) in
    let d := take start (shm_data g) ++ take len data ++ drop (start + len) (shm_data g) in
    (set_shm t (<[shmid := with_data g d]> (shm t)), Ok (Z.of_nat len)).

Definition shmctl (t : IpcTable) (shmid cmd caller_uid caller_gid : Z)
    : IpcTable * result (option ShmSegment) :=
  if cmd =? IPC_STAT then
    let? g := ok_or (shm t !! shmid) EINVAL orelse t in
    let? _ := ipc_check_perm caller_uid caller_gid (shm_uid g) (shm_gid g) (shm_mode g) IPC_R orelse t in
    (t, Ok (Some g))
  else if cmd =? IPC_RMID then
    let? g := ok_or (shm t !! shmid) EINVAL orelse t in
    let? _ := ipc_check_owner caller_uid (shm_uid g) (shm_cuid g) orelse t in
    (set_shm t (delete shmid (shm t)), Ok None)
  else (t, Err EINVAL).

Definition shmctl_set (t : IpcTable) (now shmid new_uid new_gid new_mode caller_uid : Z)
    : IpcTable * result unit :=
  let? g := ok_or (shm t !! shmid) EINVAL orelse t in
  let? _ := ipc_check_owner caller_uid (shm_uid g) (shm_cuid g) orelse t in
  (set_shm t (<[shmid := mkShm (shm_key g) (shm_id g) (Z.land new_mode IPC_PERM_MASK) new_uid new_gid
     (shm_cuid g) (shm_cgid g) (segsz g) (shm_data g) (cpid g) (lpid g) (nattch g) (atime g)
     (dtime g) now (shm_seq g)]> (shm t)), Ok tt).

(** ** Invariant of a pool *)

Section PoolInvariant.
Context {B : Type} (P : B -> Prop).
Implicit Types (p : Pool B) (o : Object B).

Definition pin_refs p (g : Z) : Z := refs (fun x => x) (pins p) g.

(** Objects sit at their id, generations are unique and below the next one,
    a tombstone is exactly a removed object that is still pinned, and the
    pin count of an object is the number of pins that retain it. *)
Record pool_ok (next_g : Z) p : Prop := {
  p_live : forall i o, live p !! i = Some o ->
    id o = i /\ removed o = false /\ generation o < next_g
    /\ active_pins o = pin_refs p (generation o) /\ P (body o);
  p_tombs : forall g o, tombs p !! g = Some o ->
    generation o = g /\ removed o = true /\ g < next_g
    /\ active_pins o = pin_refs p g /\ 0 < active_pins o;
  p_gen_live : forall i j o o', live p !! i = Some o -> live p !! j = Some o' ->
    generation o = generation o' -> i = j;
  p_gen_tombs : forall i o, live p !! i = Some o -> tombs p !! generation o = None;
  p_pins : forall k g, pins p !! k = Some g ->
    (exists i o, live p !! i = Some o /\ generation o = g) \/ is_Some (tombs p !! g);
  p_keys : forall i j o o', live p !! i = Some o -> live p !! j = Some o' ->
    key o = key o' -> key o <> IPC_PRIVATE -> i = j;
}.

Lemma pool_ok_empty g : pool_ok g (mkPool ∅ ∅ ∅).
Proof. split; simpl; intros *; rewrite ?lookup_empty; done. Qed.

Lemma pool_ok_mono g g' p : g <= g' -> pool_ok g p -> pool_ok g' p.
Proof.
  intros Hg [H1 H2 H3 H4 H5 H6]. split; auto.
  - intros i o Ho. destruct (H1 i o Ho) as (? & ? & ? & ? & ?). split_and!; auto; lia.
  - intros i o Ho. destruct (H2 i o Ho) as (? & ? & ? & ? & ?). split_and!; auto; lia.
Qed.

(** The same identity, counters and key. *)
Definition same_header o o' : Prop :=
  key o' = key o /\ id o' = id o /\ generation o' = generation o
  /\ active_pins o' = active_pins o /\ removed o' = removed o.

Lemma update_live_ok g p i o o' : pool_ok g p -> live p !! i = Some o -> same_header o o' ->
  P (body o') -> pool_ok g (update_live p i o').
Proof.
  intros [H1 H2 H3 H4 H5 H6] Ho (Ek & Ei & Eg & Ea & Er) HP.
  assert (forall j x, <[i := o']> (live p) !! j = Some x ->
    exists y, live p !! j = Some y /\ key x = key y /\ id x = id y /\ generation x = generation y
      /\ active_pins x = active_pins y /\ removed x = removed y /\ P (body x)) as Hcase.
  { intros j x. rewrite lookup_insert. case_decide as Hj.
    - intros [= <-]. subst j. exists o. done.
    - intros Hx. exists x. split_and!; try done. by apply (H1 j x). }
  split; simpl; auto.
  - intros j x (y & Hy & _ & -> & -> & -> & -> & Hx)%Hcase.
    destruct (H1 j y Hy) as (? & ? & ? & ? & ?). done.
  - intros j k x x' (y & Hy & _ & _ & -> & _)%Hcase (y' & Hy' & _ & _ & -> & _)%Hcase. eauto.
  - intros j x (y & Hy & _ & _ & -> & _)%Hcase. eauto.
  - intros k g' Hk. destruct (H5 k g' Hk) as [(j & x & Hx & Hgx)|]; [left|by right].
    exists j. rewrite lookup_insert. case_decide; [|eauto]. subst j. exists o'. split; [done|].
    rewrite Eg. congruence.
  - intros j k x x' (y & Hy & -> & _)%Hcase (y' & Hy' & -> & _)%Hcase. eauto.
Qed.

Lemma insert_new_ok g p o : pool_ok g p -> live p !! id o = None -> generation o = g ->
  removed o = false -> active_pins o = 0 -> P (body o) ->
  (key o = IPC_PRIVATE \/ forall i x, live p !! i = Some x -> key x <> key o) ->
  pool_ok (g + 1) (update_live p (id o) o).
Proof.
  intros [H1 H2 H3 H4 H5 H6] Hid Hg Hr Ha HP Hkey.
  assert (forall j x, <[id o := o]> (live p) !! j = Some x ->
    (j = id o /\ x = o) \/ (j <> id o /\ live p !! j = Some x)) as Hcase.
  { intros j x. rewrite lookup_insert. case_decide; [intros [= <-]; by left|by right]. }
  assert (forall j x, live p !! j = Some x -> generation x < g) as Hlt by (intros j x Hx; by apply (H1 j x)).
  split; simpl.
  - intros j x [[-> ->]|[_ Hx]]%Hcase.
    + split_and!; auto; [lia|]. rewrite Ha. symmetry. apply refs_zero. intros k g' Hk E.
      destruct (H5 k g' Hk) as [(i & x & Hx & Hgx)|[x Hx]].
      * specialize (Hlt i x Hx). lia.
      * destruct (H2 _ _ Hx) as (_ & _ & ? & _). lia.
    + destruct (H1 j x Hx) as (? & ? & ? & ? & ?). split_and!; auto; lia.
  - intros g' x Hx. destruct (H2 g' x Hx) as (? & ? & ? & ? & ?). split_and!; auto; lia.
  - intros j k x x' [[-> ->]|[_ Hx]]%Hcase [[-> ->]|[_ Hx']]%Hcase Hgen; auto.
    + specialize (Hlt _ _ Hx'). lia.
    + specialize (Hlt _ _ Hx). lia.
    + eauto.
  - intros j x [[-> ->]|[_ Hx]]%Hcase; [|eauto].
    destruct (tombs p !! generation o) as [y|] eqn:Hy; [|done]. destruct (H2 _ _ Hy) as (_ & _ & ? & _). lia.
  - intros k g' Hk. destruct (H5 k g' Hk) as [(j & x & Hx & Hgx)|]; [left|by right].
    exists j, x. split; [|done]. rewrite lookup_insert_ne; [done|]. intros <-. congruence.
  - intros j k x x' [[-> ->]|[_ Hx]]%Hcase [[-> ->]|[_ Hx']]%Hcase Hk Hnp; auto.
    + destruct Hkey as [|Hkey]; [done|]. by destruct (Hkey _ _ Hx').
    + destruct Hkey as [|Hkey]; [congruence|]. by destruct (Hkey _ _ Hx).
    + eauto.
Qed.

Lemma remove_object_ok g p i caller p' r : pool_ok g p -> remove_object p i caller = (p', r) ->
  pool_ok g p'.
Proof.
  intros Hp. unfold remove_object, ok_or. destruct (live p !! i) as [o|] eqn:Ho; [|by intros [= <- _]].
  destruct (ipc_check_owner _ _ _); [|by intros [= <- _]]. intros [= <- _].
  pose proof Hp as [H1 H2 H3 H4 H5 H6]. destruct (H1 i o Ho) as (Eid & Er & Eg & Ea & HP).
  cbn [active_pins with_removed generation].
  assert (forall j x, delete i (live p) !! j = Some x -> j <> i /\ live p !! j = Some x) as Hcase.
  { intros j x [? ?]%lookup_delete_Some. auto. }
  assert (forall j x, j <> i -> live p !! j = Some x -> generation x <> generation o) as Hne.
  { intros j x Hj Hx E. by apply Hj, (H3 _ _ x o). }
  set (ts := if active_pins o =? 0 then _ else _).
  assert (forall g' x, ts !! g' = Some x ->
    tombs p !! g' = Some x \/ (g' = generation o /\ x = with_removed o /\ 0 < active_pins o)) as Hts.
  { unfold ts. intros g' x. destruct (Z.eqb_spec (active_pins o) 0); [by left|].
    rewrite lookup_insert. case_decide; [|by left]. intros [= <-]. right. split_and!; auto.
    pose proof (refs_nonneg (fun x => x) (pins p) (generation o)). unfold pin_refs in *. lia. }
  split; simpl.
  - intros j x [_ Hx]%Hcase. by apply H1.
  - intros g' x [Hx|(-> & -> & Hpos)]%Hts; [by apply H2|]. done.
  - intros j k x x' [_ Hx]%Hcase [_ Hx']%Hcase. eauto.
  - intros j x [Hj Hx]%Hcase. destruct (ts !! generation x) as [y|] eqn:Hy; [|done].
    apply Hts in Hy as [Hy|(E & _)]; [|by apply Hne in Hx]. rewrite (H4 _ _ Hx) in Hy. done.
  - intros k g' Hk. destruct (H5 k g' Hk) as [(j & x & Hx & Hgx)|[x Hx]].
    + destruct (decide (j = i)) as [->|Hj].
      * right. simplify_eq. unfold ts. pose proof (refs_pos (fun x => x) (pins p) k _ Hk) as Hpos.
        unfold pin_refs in Ea. rewrite Ea. rewrite (proj2 (Z.eqb_neq _ _)) by lia.
        rewrite lookup_insert_eq. eauto.
      * left. exists j, x. by rewrite lookup_delete_ne by done.
    + right. unfold ts. destruct (active_pins o =? 0); [eauto|]. rewrite lookup_insert. case_decide; eauto.
  - intros j k x x' [_ Hx]%Hcase [_ Hx']%Hcase. eauto.
Qed.

(** Changing the pin count of a live object together with the pins. *)
Lemma recount_live_ok g p i o n ps : pool_ok g p -> live p !! i = Some o ->
  (forall g', refs (fun x => x) ps g' = if decide (g' = generation o) then n else pin_refs p g') ->
  (forall k g', ps !! k = Some g' -> g' = generation o \/ pins p !! k = Some g') ->
  pool_ok g (mkPool (<[i := with_pins o n]> (live p)) (tombs p) ps).
Proof.
  intros [H1 H2 H3 H4 H5 H6] Ho Hrefs Hps.
  assert (forall j x, <[i := with_pins o n]> (live p) !! j = Some x ->
    exists y, live p !! j = Some y /\ key x = key y /\ id x = id y /\ generation x = generation y
      /\ removed x = removed y /\ body x = body y
      /\ active_pins x = if decide (generation y = generation o) then n else active_pins y) as Hcase.
  { intros j x. rewrite lookup_insert. case_decide as Hj.
    - intros [= <-]. subst j. exists o. by rewrite decide_True.
    - intros Hx. exists x. split_and!; try done. rewrite decide_False; [done|].
      intros E. apply Hj. by apply (H3 _ _ o x). }
  split; simpl.
  - intros j x (y & Hy & _ & -> & -> & -> & -> & ->)%Hcase.
    destruct (H1 j y Hy) as (? & ? & ? & ? & ?). split_and!; auto.
    unfold pin_refs. simpl. rewrite Hrefs. by case_decide.
  - intros g' x Hx. destruct (H2 g' x Hx) as (? & ? & ? & ? & ?). split_and!; auto.
    unfold pin_refs. simpl. rewrite Hrefs, decide_False; [done|]. intros ->.
    rewrite (H4 _ _ Ho) in Hx. done.
  - intros j k x x' (y & Hy & _ & _ & -> & _)%Hcase (y' & Hy' & _ & _ & -> & _)%Hcase. eauto.
  - intros j x (y & Hy & _ & _ & -> & _)%Hcase. eauto.
  - intros k g' Hk. destruct (Hps k g' Hk) as [->|Hk'].
    + left. exists i. rewrite lookup_insert_eq. eauto.
    + destruct (H5 k g' Hk') as [(j & x & Hx & Hgx)|]; [left|by right].
      exists j. rewrite lookup_insert. case_decide; [|eauto]. subst j. eexists. split; [done|].
      simpl. congruence.
  - intros j k x x' (y & Hy & -> & _)%Hcase (y' & Hy' & -> & _)%Hcase. eauto.
Qed.

Lemma pin_object_ok g p fresh adm pub p' r : pool_ok g p ->
  (forall i next, fresh = Ok (i, next) -> pins p !! i = None) ->
  pin_object p fresh adm pub = (p', r) -> pool_ok g p'.
Proof.
  intros Hp Hfresh. unfold pin_object, ok_or. destruct (live p !! pub) as [o|] eqn:Ho; [|by intros [= <- _]].
  cbn [option_map]. destruct fresh as [[i next]|]; [|by intros [= <- _]].
  destruct (prepare_io _ _ _); [|by intros [= <- _]].
  unfold checked_add. destruct (_ <=? _); [|by intros [= <- _]]. intros [= <- _].
  specialize (Hfresh i next eq_refl). destruct (p_live _ _ Hp _ _ Ho) as (_ & _ & _ & Ea & _).
  apply recount_live_ok; [done..| |].
  - intros g'. rewrite refs_insert by done. unfold pin_refs in *. case_decide as Hg.
    + subst g'. rewrite decide_True by done. lia.
    + rewrite decide_False by auto. lia.
  - intros k g'. rewrite lookup_insert. case_decide; [intros [= <-]; by left|by right].
Qed.

Lemma release_tomb_ok g p pin p' r : pool_ok g p -> pins p !! pin_id pin = Some (pin_generation pin) ->
  release_tomb p pin = (p', r) -> pool_ok g p'.
Proof.
  intros Hp Hpin. unfold release_tomb, ok_or. set (gen := pin_generation pin) in *.
  destruct (tombs p !! gen) as [o|] eqn:Ho; [|by intros [= <- _]].
  destruct (_ || _); [by intros [= <- _]|].
  unfold checked_sub. destruct (_ <=? _); [|by intros [= <- _]]. intros [= <- _].
  pose proof Hp as [H1 H2 H3 H4 H5 H6]. destruct (H2 _ _ Ho) as (Eg & Er & Elt & Ea & Hpos).
  assert (forall g', refs (fun x => x) (delete (pin_id pin) (pins p)) g'
    = pin_refs p g' - if decide (g' = gen) then 1 else 0) as Hrefs.
  { intros g'. rewrite (refs_delete _ _ _ gen) by done. unfold pin_refs. do 2 case_decide; congruence || lia. }
  set (ts := if active_pins o - 1 =? 0 then _ else _).
  assert (forall g' x, ts !! g' = Some x -> (g' <> gen /\ tombs p !! g' = Some x)
    \/ (g' = gen /\ x = with_pins o (active_pins o - 1) /\ 0 < active_pins o - 1)) as Hts.
  { unfold ts. intros g' x. destruct (Z.eqb_spec (active_pins o - 1) 0).
    - intros [? ?]%lookup_delete_Some. by left.
    - rewrite lookup_insert. case_decide; [intros [= <-]; right; split_and!; auto; lia|by left; auto]. }
  split; simpl; auto.
  - intros j x Hx. destruct (H1 j x Hx) as (? & ? & ? & ? & ?). split_and!; auto. unfold pin_refs. simpl.
    rewrite Hrefs, decide_False; [lia|]. intros E. rewrite <- E, (H4 _ _ Hx) in Ho. done.
  - intros g' x [[Hne Hx]|(-> & -> & Hpos')]%Hts.
    + destruct (H2 g' x Hx) as (? & ? & ? & ? & ?). split_and!; auto. unfold pin_refs. simpl.
      rewrite Hrefs, decide_False by done. lia.
    + split_and!; auto. unfold pin_refs. simpl. rewrite Hrefs, decide_True by done. lia.
  - intros j x Hx. destruct (ts !! generation x) as [y|] eqn:Hy; [|done].
    apply Hts in Hy as [[_ Hy]|(E & _)]; [by rewrite (H4 _ _ Hx) in Hy|].
    rewrite <- E, (H4 _ _ Hx) in Ho. done.
  - intros k g' [Hk Hpk]%lookup_delete_Some. destruct (H5 k g' Hpk) as [|[x Hx]]; [by left|right].
    unfold ts. destruct (decide (g' = gen)) as [->|Hg].
    + pose proof (refs_pos (fun x => x) (delete (pin_id pin) (pins p)) k gen) as Hp'.
      rewrite lookup_delete_ne in Hp' by done. specialize (Hp' Hpk). rewrite Hrefs, decide_True in Hp' by done.
      rewrite (proj2 (Z.eqb_neq _ _)) by lia. rewrite lookup_insert_eq. eauto.
    + destruct (_ =? 0); [rewrite lookup_delete_ne by auto|rewrite lookup_insert_ne by auto]; eauto.
Qed.

Lemma release_pin_ok g p pin p' r : pool_ok g p -> release_pin p pin = (p', r) -> pool_ok g p'.
Proof.
  intros Hp. unfold release_pin, ok_or. case_bool_decide as Hpin; simpl; [|by intros [= <- _]].
  destruct (live p !! public_id pin) as [o|] eqn:Ho; [|by apply release_tomb_ok].
  destruct (Z.eqb_spec (generation o) (pin_generation pin)) as [Eg|]; [|by apply release_tomb_ok].
  unfold checked_sub. destruct (_ <=? _); [|by intros [= <- _]]. intros [= <- _].
  destruct (p_live _ _ Hp _ _ Ho) as (_ & _ & _ & Ea & _).
  apply recount_live_ok; [done..| |].
  - intros g'. rewrite (refs_delete _ _ _ (pin_generation pin)) by done. unfold pin_refs in *.
    rewrite <- Eg. case_decide as Hg; [subst g'; rewrite decide_True by done; lia|].
    rewrite decide_False by auto. lia.
  - intros k g' [_ ?]%lookup_delete_Some. by right.
Qed.
End PoolInvariant.

(** ** Public identifiers *)

Definition used_ids (t : IpcTable) : gset Z :=
  dom (live (msg t)) ∪ dom (live (sem t)) ∪ dom (shm t).

Lemma public_id_in_use_spec t i : public_id_in_use t i = true <-> i ∈ used_ids t.
Proof.
  unfold public_id_in_use, used_ids. rewrite !orb_true_iff, !bool_decide_eq_true.
  rewrite !elem_of_union, !elem_of_dom. done.
Qed.

Lemma size_union_le (X Y : gset Z) : (size (X ∪ Y) <= size X + size Y)%nat.
Proof.
  rewrite size_union_alt. assert (size (Y ∖ X) <= size Y)%nat; [|lia].
  apply subseteq_size. set_solver.
Qed.

Lemma used_ids_size t : (size (used_ids t) <= live_count t)%nat.
Proof.
  unfold used_ids, live_count.
  pose proof (size_union_le (dom (live (msg t)) ∪ dom (live (sem t))) (dom (shm t))) as H1.
  pose proof (size_union_le (dom (live (msg t))) (dom (live (sem t)))) as H2.
  rewrite !size_dom in *. lia.
Qed.

(** The candidates of [n] rounds. *)
Definition visited (max_id c : Z) (n : nat) : list Z :=
  map (fun k => (c + Z.of_nat k) mod (max_id + 1)) (List.seq 0 n).

Lemma scan_id_spec t max_id n c : 0 <= c <= max_id ->
  match scan_id t max_id n c with
  | Ok (i, next) => 0 <= i <= max_id /\ 0 <= next <= max_id /\ i ∉ used_ids t
  | Err e => e = ENOSPC /\ forall i, In i (visited max_id c n) -> i ∈ used_ids t
  end.
Proof.
  revert c. induction n as [|n IH]; intros c Hc; [done|].
  set (next := if c =? max_id then 0 else c + 1).
  assert (0 <= next <= max_id) as Hn by (unfold next; destruct (Z.eqb_spec c max_id); lia).
  cbn [scan_id]. fold next. destruct (public_id_in_use t c) eqn:Hu.
  - specialize (IH next Hn). destruct (scan_id t max_id n next) as [[i nx]|e]; [done|].
    destruct IH as [-> IH]. split; [done|]. intros i (k & <- & Hk)%in_map_iff. apply in_seq in Hk.
    destruct k as [|k].
    + rewrite Z.add_0_r, Z.mod_small by lia. by apply public_id_in_use_spec.
    + apply IH. apply in_map_iff. exists k. split; [|apply in_seq; lia].
      assert (next = (c + 1) mod (max_id + 1)) as ->.
      { unfold next. destruct (Z.eqb_spec c max_id) as [E|]; [rewrite E; by rewrite Z.mod_same by lia|].
        by rewrite Z.mod_small by lia. }
      rewrite Z.add_mod_idemp_l by lia. f_equal. lia.
  - split_and!; try lia. rewrite <- public_id_in_use_spec. by rewrite Hu.
Qed.

Lemma NoDup_map_in_inj {A C} (f : A -> C) l :
  (forall x y, In x l -> In y l -> f x = f y -> x = y) -> List.NoDup l -> List.NoDup (map f l).
Proof.
  intros Hf Hl. induction Hl as [|x l Hx Hl IH]; simpl; constructor.
  - intros (y & E & Hy)%in_map_iff. apply Hx. by rewrite (Hf x y); simpl; auto.
  - apply IH. simpl in Hf. auto.
Qed.

Lemma visited_NoDup max_id c n : 0 <= max_id -> (n <= Z.to_nat (max_id + 1))%nat ->
  List.NoDup (visited max_id c n).
Proof.
  intros Hm Hn. unfold visited. apply NoDup_map_in_inj; [|apply seq_NoDup].
  intros x y Hx%in_seq Hy%in_seq E.
  pose proof (Z.div_mod (c + Z.of_nat x) (max_id + 1) ltac:(lia)).
  pose proof (Z.div_mod (c + Z.of_nat y) (max_id + 1) ltac:(lia)).
  set (D := max_id + 1) in *. set (q1 := (c + Z.of_nat x) / D) in *. set (q2 := (c + Z.of_nat y) / D) in *.
  assert (Z.of_nat x - Z.of_nat y = D * (q1 - q2)) by lia.
  assert (q1 - q2 = 0) by nia. nia.
Qed.

Lemma visited_all max_id c i : 0 <= c <= max_id -> 0 <= i <= max_id ->
  In i (visited max_id c (Z.to_nat (max_id + 1))).
Proof.
  intros Hc Hi. apply in_map_iff. exists (Z.to_nat ((i - c) mod (max_id + 1))).
  pose proof (Z.mod_pos_bound (i - c) (max_id + 1) ltac:(lia)).
  split; [|apply in_seq; lia]. rewrite Z2Nat.id by lia. rewrite Z.add_mod_idemp_r by lia.
  replace (c + (i - c)) with i by lia. apply Z.mod_small. lia.
Qed.

(** Allocation finds a free id whenever there is one. *)
Lemma next_free_id_spec t max_id : 0 <= max_id ->
  match next_free_id_bounded t max_id with
  | Ok (i, next) => 0 <= i <= max_id /\ 0 <= next <= max_id /\ i ∉ used_ids t
  | Err e => e = ENOSPC /\ forall i, 0 <= i <= max_id -> i ∈ used_ids t
  end.
Proof.
  intros Hm. unfold next_free_id_bounded. rewrite (proj2 (Z.ltb_ge _ _)) by lia.
  set (c := if _ : bool then next_id t else 0).
  assert (0 <= c <= max_id) as Hc.
  { unfold c. destruct (_ && _) eqn:E; [|lia]. to_prop. lia. }
  set (n := Z.to_nat _). pose proof (scan_id_spec t max_id n c Hc) as H.
  destruct (scan_id t max_id n c) as [[i nx]|e]; [done|]. destruct H as [-> H]. split; [done|].
  destruct (le_lt_dec (Z.to_nat (max_id + 1)) (S (live_count t))) as [Hle|Hgt].
  - intros i Hi. apply H. unfold n. rewrite Z.min_l by lia. by apply visited_all.
  - exfalso. assert (n = S (live_count t)) as En by (unfold n; lia).
    assert (list_to_set (visited max_id c n) ⊆ used_ids t) as Hsub.
    { intros i Hi%elem_of_list_to_set. apply H. by apply list_elem_of_In. }
    apply subseteq_size in Hsub. rewrite size_list_to_set in Hsub
      by (apply NoDup_ListNoDup, visited_NoDup; unfold n; lia).
    unfold visited in Hsub. rewrite length_map, length_seq in Hsub. pose proof (used_ids_size t). lia.
Qed.

(** ** The table invariant *)

(** The bytes queued. *)
Definition total_bytes (ms : list MsgEntry) : Z := foldr (fun m n => lenZ (mdata m) + n) 0 ms.

(** The byte account is exact and every message is one [msgsnd] admits. *)
Definition msg_ok (b : MsgBody) : Prop :=
  cbytes b = total_bytes (messages b)
  /\ forall m, In m (messages b) -> lenZ (mdata m) <= SYSV_MSG_MAX_BYTES.

Definition sem_ok (b : SemBody) : Prop :=
  lenZ (values b) = nsems b /\ forall v, In v (values b) -> 0 <= val v <= u16_max.

Definition shm_ok (m : gmap Z ShmSegment) : Prop :=
  (forall i g, m !! i = Some g -> shm_id g = i /\ lenZ (shm_data g) = segsz g)
  /\ (forall i j g g', m !! i = Some g -> m !! j = Some g' -> shm_key g = shm_key g' ->
        shm_key g <> IPC_PRIVATE -> i = j).

Record table_ok (t : IpcTable) : Prop := {
  t_msg : pool_ok msg_ok (next_generation t) (msg t);
  t_sem : pool_ok sem_ok (next_generation t) (sem t);
  t_shm : shm_ok (shm t);
  t_one : forall i, ~ (is_Some (live (msg t) !! i) /\ is_Some (live (sem t) !! i))
            /\ ~ (is_Some (live (msg t) !! i) /\ is_Some (shm t !! i))
            /\ ~ (is_Some (live (sem t) !! i) /\ is_Some (shm t !! i));
  t_next_pin : forall c, next_pin_id t = Some c -> c <= u64_max;
}.

Lemma table_ok_new : table_ok new.
Proof.
  split; simpl; try apply pool_ok_empty.
  - by split; intros *; rewrite lookup_empty.
  - intros i. rewrite !lookup_empty. by split_and!; intros [[? ?] [? ?]].
  - intros c [= <-]. vm_compute. discriminate.
Qed.

(** A pool that changes keeps the table when it exposes no new public id. *)
Lemma set_msg_ok t p : table_ok t -> pool_ok msg_ok (next_generation t) p ->
  (forall i, is_Some (live p !! i) -> is_Some (live (msg t) !! i)) -> table_ok (set_msg t p).
Proof.
  intros [H1 H2 H3 H4 H5] Hp Hsub. split; simpl; auto. intros i. specialize (H4 i). specialize (Hsub i). tauto.
Qed.

Lemma set_sem_ok t p : table_ok t -> pool_ok sem_ok (next_generation t) p ->
  (forall i, is_Some (live p !! i) -> is_Some (live (sem t) !! i)) -> table_ok (set_sem t p).
Proof.
  intros [H1 H2 H3 H4 H5] Hp Hsub. split; simpl; auto. intros i. specialize (H4 i). specialize (Hsub i). tauto.
Qed.

Lemma set_shm_ok t m : table_ok t -> shm_ok m ->
  (forall i, is_Some (m !! i) -> is_Some (shm t !! i)) -> table_ok (set_shm t m).
Proof.
  intros [H1 H2 H3 H4 H5] Hp Hsub. split; simpl; auto. intros i. specialize (H4 i). specialize (Hsub i). tauto.
Qed.

Lemma insert_sub {A} (m : gmap Z A) i x y j : m !! i = Some x ->
  is_Some (<[i := y]> m !! j) -> is_Some (m !! j).
Proof. intros Hx. rewrite lookup_insert. case_decide; [subst; eauto|done]. Qed.

Lemma delete_sub {A} (m : gmap Z A) i j : is_Some (delete i m !! j) -> is_Some (m !! j).
Proof. intros [x [_ Hx]%lookup_delete_Some]. eauto. Qed.

(** A new object of one kind takes an id no kind uses. *)
Lemma new_msg_ok t o next : table_ok t -> id o ∉ used_ids t -> generation o = next_generation t ->
  removed o = false -> active_pins o = 0 -> msg_ok (body o) ->
  (key o = IPC_PRIVATE \/ forall i x, live (msg t) !! i = Some x -> key x <> key o) ->
  table_ok (mkIpc (update_live (msg t) (id o) o) (sem t) (shm t) next (next_generation t + 1) (next_pin_id t)).
Proof.
  intros [H1 H2 H3 H4 H5] Hid Hg Hr Ha Hb Hk. unfold used_ids in Hid.
  rewrite !not_elem_of_union, !not_elem_of_dom in Hid. destruct Hid as [[Hi1 Hi2] Hi3]. split; simpl; auto.
  - by apply insert_new_ok.
  - eapply pool_ok_mono; [|done]. lia.
  - intros i. specialize (H4 i). rewrite lookup_insert. case_decide; [subst i|done].
    rewrite Hi2, Hi3. by split_and!; intros [[? ?] [? ?]].
Qed.

Lemma new_sem_ok t o next : table_ok t -> id o ∉ used_ids t -> generation o = next_generation t ->
  removed o = false -> active_pins o = 0 -> sem_ok (body o) ->
  (key o = IPC_PRIVATE \/ forall i x, live (sem t) !! i = Some x -> key x <> key o) ->
  table_ok (mkIpc (msg t) (update_live (sem t) (id o) o) (shm t) next (next_generation t + 1) (next_pin_id t)).
Proof.
  intros [H1 H2 H3 H4 H5] Hid Hg Hr Ha Hb Hk. unfold used_ids in Hid.
  rewrite !not_elem_of_union, !not_elem_of_dom in Hid. destruct Hid as [[Hi1 Hi2] Hi3]. split; simpl; auto.
  - eapply pool_ok_mono; [|done]. lia.
  - by apply insert_new_ok.
  - intros i. specialize (H4 i). rewrite lookup_insert. case_decide; [subst i|done].
    rewrite Hi1, Hi3. by split_and!; intros [[? ?] [? ?]].
Qed.

Lemma find_key_None {B} (m : gmap Z (Object B)) k i o : find_key m k = None -> m !! i = Some o -> key o <> k.
Proof.
  unfold find_key. destruct (List.find _ _) eqn:Hf; [done|]. intros _ Ho E.
  pose proof (find_none _ _ Hf (i, o)) as Hn. simpl in Hn. rewrite E, Z.eqb_refl in Hn.
  discriminate Hn. by apply list_elem_of_In, elem_of_map_to_list.
Qed.

Lemma find_key_Some {B} (m : gmap Z (Object B)) k o : find_key m k = Some o ->
  key o = k /\ exists i, m !! i = Some o.
Proof.
  unfold find_key. destruct (List.find _ _) as [[i x]|] eqn:Hf; [|done]. intros [= <-].
  apply find_some in Hf as [Hin E]. simpl in E. to_prop. split; [done|]. exists i.
  by apply elem_of_map_to_list, list_elem_of_In.
Qed.

Lemma find_shm_key_None (m : gmap Z ShmSegment) k i g : find_shm_key m k = None -> m !! i = Some g ->
  shm_key g <> k.
Proof.
  unfold find_shm_key. destruct (List.find _ _) eqn:Hf; [done|]. intros _ Ho E.
  pose proof (find_none _ _ Hf (i, g)) as Hn. simpl in Hn. rewrite E, Z.eqb_refl in Hn.
  discriminate Hn. by apply list_elem_of_In, elem_of_map_to_list.
Qed.

Lemma next_free_id_ok t i next : next_free_id t = Ok (i, next) -> i ∉ used_ids t.
Proof.
  unfold next_free_id. assert (0 <= i32_max) as Hm by done. revert Hm. generalize i32_max.
  intros m Hm H. pose proof (next_free_id_spec t m Hm) as Hs. rewrite H in Hs. by destruct Hs as (_ & _ & ?).
Qed.

Lemma next_free_generation_ok t g next : next_free_generation t = Ok (g, next) ->
  g = next_generation t /\ next = next_generation t + 1.
Proof. unfold next_free_generation, checked_add, ok_or. repeat case_match; intros; by simplify_eq. Qed.

Lemma next_free_pin_id_ok t i next : table_ok t -> next_free_pin_id t = Ok (i, next) ->
  pins (msg t) !! i = None /\ pins (sem t) !! i = None /\ forall c, next = Some c -> c <= u64_max.
Proof.
  intros Ht. unfold next_free_pin_id. destruct (next_pin_id t) as [c|] eqn:Hc; [|done]. cbn [ok_or].
  pose proof (t_next_pin _ Ht c Hc) as Hle. set (u := pins (msg t) ∪ pins (sem t)).
  pose proof (scan_free_spec u u64_max EOVERFLOW (S (size u)) c ltac:(lia) Hle) as Hs.
  destruct (scan_free _ _ _ _ _) as [j|]; [|done]. intros [= <- <-]. destruct Hs as (_ & Hn & _).
  apply lookup_union_None in Hn as [H1 H2]. split_and!; auto. intros c'.
  destruct (Z.leb_spec (j + 1) u64_max); intros [= <-]. lia.
Qed.

(** ** Every call preserves the invariant *)

Lemma total_bytes_app l1 l2 : total_bytes (l1 ++ l2) = total_bytes l1 + total_bytes l2.
Proof. induction l1 as [|m l IH]; simpl; lia. Qed.

Lemma total_bytes_nonneg l : 0 <= total_bytes l.
Proof. induction l as [|m l IH]; simpl; lia. Qed.

Lemma total_bytes_remove l i m : l !! i = Some m ->
  total_bytes (remove_at i l) = total_bytes l - lenZ (mdata m).
Proof.
  intros Hm. destruct (remove_at_split i l m Hm) as [E _]. unfold remove_at.
  rewrite E at 3. rewrite !total_bytes_app. simpl. lia.
Qed.

(** An operation on one object that keeps its header and its body invariant. *)
Definition preserves {B A} (P : B -> Prop) (f : Object B -> Object B * result A) : Prop :=
  forall o, P (body o) -> same_header o (fst (f o)) /\ P (body (fst (f o))).

Lemma same_header_refl {B} (o : Object B) : same_header o o.
Proof. done. Qed.
#[export] Hint Resolve same_header_refl : kandelo.

Lemma on_msg_ok {A} t pub found (f : MsgQueue -> MsgQueue * result A) : table_ok t ->
  (forall q, found = Ok q -> live (msg t) !! pub = Some q) -> preserves msg_ok f ->
  table_ok (fst (on_msg t pub found f)).
Proof.
  intros Ht Hf Hp. unfold on_msg. destruct found as [q|]; [|done]. specialize (Hf q eq_refl).
  destruct (p_live _ _ _ (t_msg _ Ht) _ _ Hf) as (_ & _ & _ & _ & Hb).
  destruct (Hp q Hb) as [Hh Hb']. destruct (f q) as [q' r]. simpl in *.
  apply set_msg_ok; [done| |].
  - eapply update_live_ok; [apply Ht|done..].
  - simpl. intros i. by apply (insert_sub _ _ q).
Qed.

Lemma on_sem_ok {A} t pub found (f : SemSet -> SemSet * result A) : table_ok t ->
  (forall s, found = Ok s -> live (sem t) !! pub = Some s) -> preserves sem_ok f ->
  table_ok (fst (on_sem t pub found f)).
Proof.
  intros Ht Hf Hp. unfold on_sem. destruct found as [q|]; [|done]. specialize (Hf q eq_refl).
  destruct (p_live _ _ _ (t_sem _ Ht) _ _ Hf) as (_ & _ & _ & _ & Hb).
  destruct (Hp q Hb) as [Hh Hb']. destruct (f q) as [q' r]. simpl in *.
  apply set_sem_ok; [done| |].
  - eapply update_live_ok; [apply Ht|done..].
  - simpl. intros i. by apply (insert_sub _ _ q).
Qed.

Lemma found_live {B} (p : Pool B) i e o : ok_or (live p !! i) e = Ok o -> live p !! i = Some o.
Proof. by destruct (live p !! i); intros [= ->]. Qed.

Lemma found_pin {B} (p : Pool B) pin o : live_for_pin p pin = Ok o ->
  live p !! public_id pin = Some o /\ generation o = pin_generation pin.
Proof.
  unfold live_for_pin. destruct (negb _); [done|]. destruct (live p !! _); [|done].
  case_match eqn:E; [|done]. to_prop. intros [= ->]. done.
Qed.

Lemma msgsnd_preserves now mt d s u g m1 m2 :
  preserves msg_ok (fun q => msgsnd_queue q now mt d s u g m1 m2).
Proof.
  intros q [Hc Hl]. unfold msgsnd_queue, ok_or. destruct (ipc_check_perm _ _ _ _ _ _); [|done].
  destruct (Z.ltb_spec SYSV_MSG_MAX_BYTES (lenZ d)); [done|].
  unfold checked_add. destruct (_ <=? u32_max); [|done]. destruct (_ <? _); [done|].
  destruct m1, m2; try done. simpl. split; [done|]. split; simpl.
  - rewrite total_bytes_app. simpl. lia.
  - intros m [Hm|[<-|[]]]%in_app_iff; auto.
Qed.

Lemma msgrcv_preserves now mx mt mo fl r u g :
  preserves msg_ok (fun q => msgrcv_queue q now mx mt mo fl r u g).
Proof.
  intros q [Hc Hl]. unfold msgrcv_queue. destruct (ipc_check_perm _ _ _ _ _ _); [|done].
  destruct (select_message _ _ _) as [idx|]; [|done]. cbn [mbind option_bind].
  destruct (messages (body q) !! idx) as [m|] eqn:Hm; [|done]. cbn [mbind option_bind].
  destruct (_ <? _); [done|]. destruct (_ && _); [done|]. simpl. split; [done|]. split; simpl.
  - rewrite (total_bytes_remove _ _ m) by done.
    assert (lenZ (mdata m) <= SYSV_MSG_MAX_BYTES) as Hle.
    { apply Hl, list_elem_of_In. by eapply list_elem_of_lookup_2. }
    unfold as_u32. rewrite Z.mod_small by (unfold SYSV_MSG_MAX_BYTES in *; lia).
    unfold saturating_sub. rewrite Hc. destruct (remove_at_split idx _ m Hm) as [E _].
    rewrite E, total_bytes_app. simpl.
    pose proof (total_bytes_nonneg (take idx (messages (body q)))).
    pose proof (total_bytes_nonneg (drop (S idx) (messages (body q)))). lia.
  - intros x Hx%in_remove_at. auto.
Qed.

Lemma semop_apply_length c vs sops : length (semop_apply c vs sops) = length vs.
Proof.
  unfold semop_apply. revert vs. induction sops as [|op sops IH]; intros vs; simpl; [done|].
  rewrite IH. unfold semop_apply_one. apply length_alter.
Qed.

Lemma as_u16_range x : 0 <= as_u16 x <= u16_max.
Proof. unfold as_u16, u16_max. pose proof (Z.mod_pos_bound x (2 ^ 16) ltac:(lia)). lia. Qed.

Lemma in_alter {A} (f : A -> A) i l x : In x (alter f i l) -> exists y, In y l /\ (x = y \/ x = f y).
Proof.
  rewrite <- !list_elem_of_In. intros (j & Hj)%list_elem_of_lookup_1.
  destruct (decide (i = j)) as [->|Hne].
  - rewrite list_lookup_alter_eq in Hj. destruct (l !! j) as [y|] eqn:Hy; simplify_eq/=. exists y.
    rewrite <- list_elem_of_In. split; [by eapply list_elem_of_lookup_2|by right].
  - rewrite list_lookup_alter_ne in Hj by done. exists x. rewrite <- list_elem_of_In.
    split; [by eapply list_elem_of_lookup_2|by left].
Qed.

Lemma semop_apply_range c sops vs : (forall v, In v vs -> 0 <= val v <= u16_max) ->
  forall v, In v (semop_apply c vs sops) -> 0 <= val v <= u16_max.
Proof.
  unfold semop_apply. revert vs. induction sops as [|op sops IH]; intros vs Hv; simpl; [done|].
  apply IH. intros v (y & Hy & [->| ->])%in_alter; [auto|]. simpl.
  destruct (_ =? 0); [auto|apply as_u16_range].
Qed.

Lemma semop_preserves now sops c u g : preserves sem_ok (fun s => semop_set s now sops c u g).
Proof.
  intros s [Hl Hv]. unfold semop_set. destruct (ipc_check_perm _ _ _ _ _ _); [|done].
  destruct (semop_validate _ _); [|done]. simpl. split; [done|]. split; simpl.
  - by rewrite semop_apply_length.
  - by apply semop_apply_range.
Qed.

Lemma setval_preserves now n a u g : preserves sem_ok (sem_setval now n a u g).
Proof.
  intros s [Hl Hv]. unfold sem_setval. destruct (ipc_check_perm _ _ _ _ _ _); [|done].
  destruct (_ || _); [done|]. destruct (_ || _); [done|]. simpl. split; [done|]. split; simpl.
  - by rewrite length_alter.
  - intros v (y & Hy & [->| ->])%in_alter; [auto|apply as_u16_range].
Qed.

Lemma set_all_preserves now vals u g : (forall v, In v vals -> 0 <= v <= u16_max) ->
  preserves sem_ok (fun s =>
    let b := body s in
    let? _ := ipc_check_perm u g (uid s) (gid s) (mode s) IPC_W orelse s in
    if negb (lenZ vals =? nsems b) then (s, @Err unit EINVAL)
    else (with_ctime (with_body s (mkSemBody (nsems b) (set_vals (values b) vals) (otime b))) now, Ok tt)).
Proof.
  intros Hr s [Hl Hv]. cbv beta zeta. destruct (ipc_check_perm _ _ _ _ _ _); [|done].
  destruct (Z.eqb_spec (lenZ vals) (nsems (body s))) as [E|]; [|done]. simpl. split; [done|]. split; simpl.
  - unfold set_vals. rewrite length_zip_with. lia.
  - intros v Hin%list_elem_of_In. unfold set_vals in Hin.
    apply elem_of_lookup_zip_with in Hin as (i & s0 & v0 & -> & Hs0 & Hv0). simpl.
    apply Hr, list_elem_of_In. by eapply list_elem_of_lookup_2.
Qed.

Inductive ipc_call : Type :=
  | CMsgget (adm : bool) (now k flags u g : Z)
  | CPinMsg (adm : bool) (qid : Z)
  | CReleaseMsg (pin : Pin)
  | CMsgsnd (qid now mt : Z) (data : list Z) (s u g : Z) (m1 m2 : bool)
  | CMsgsndPinned (pin : Pin) (now mt : Z) (data : list Z) (s u g : Z) (m1 m2 : bool)
  | CMsgrcv (qid now mx mt mo fl r u g : Z)
  | CMsgrcvPinned (pin : Pin) (now mx mt mo fl r u g : Z)
  | CMsgctl (qid cmd u g : Z)
  | CMsgctlSet (now qid nu ng nm nq u : Z)
  | CSemget (mv adm : bool) (now k n flags u g : Z)
  | CPinSem (adm : bool) (semid : Z)
  | CReleaseSem (pin : Pin)
  | CSemop (semid now : Z) (sops : list SemOp) (c u g : Z)
  | CSemopPinned (pin : Pin) (now : Z) (sops : list SemOp) (c u g : Z)
  | CSemctl (mem : bool) (now semid semnum cmd arg u g : Z)
  | CSemctlSetAll (now semid : Z) (vals : list Z) (u g : Z)
  | CShmget (md adm : bool) (now k sz flags c u g : Z)
  | CShmat (now shmid c flags u g : Z)
  | CShmdt (now shmid c : Z)
  | CShmWrite (shmid offset : Z) (data : list Z)
  | CShmctl (shmid cmd u g : Z)
  | CShmctlSet (now shmid nu ng nm u : Z).

Definition run_call (t : IpcTable) (c : ipc_call) : IpcTable :=
  match c with
  | CMsgget adm now k flags u g => fst (msgget t adm now k flags u g)
  | CPinMsg adm qid => fst (pin_msg_queue t adm qid)
  | CReleaseMsg pin => fst (release_msg_queue_pin t pin)
  | CMsgsnd qid now mt data s u g m1 m2 => fst (msgsnd t qid now mt data s u g m1 m2)
  | CMsgsndPinned pin now mt data s u g m1 m2 => fst (msgsnd_pinned t pin now mt data s u g m1 m2)
  | CMsgrcv qid now mx mt mo fl r u g => fst (msgrcv t qid now mx mt mo fl r u g)
  | CMsgrcvPinned pin now mx mt mo fl r u g => fst (msgrcv_pinned t pin now mx mt mo fl r u g)
  | CMsgctl qid cmd u g => fst (msgctl t qid cmd u g)
  | CMsgctlSet now qid nu ng nm nq u => fst (msgctl_set t now qid nu ng nm nq u)
  | CSemget mv adm now k n flags u g => fst (semget t mv adm now k n flags u g)
  | CPinSem adm semid => fst (pin_sem_set t adm semid)
  | CReleaseSem pin => fst (release_sem_set_pin t pin)
  | CSemop semid now sops c u g => fst (semop t semid now sops c u g)
  | CSemopPinned pin now sops c u g => fst (semop_pinned t pin now sops c u g)
  | CSemctl mem now semid semnum cmd arg u g => fst (semctl t mem now semid semnum cmd arg u g)
  | CSemctlSetAll now semid vals u g => fst (semctl_set_all t now semid vals u g)
  | CShmget md adm now k sz flags c u g => fst (shmget t md adm now k sz flags c u g)
  | CShmat now shmid c flags u g => fst (shmat t now shmid c flags u g)
  | CShmdt now shmid c => fst (shmdt t now shmid c)
  | CShmWrite shmid offset data => fst (shm_write_chunk t shmid offset data)
  | CShmctl shmid cmd u g => fst (shmctl t shmid cmd u g)
  | CShmctlSet now shmid nu ng nm u => fst (shmctl_set t now shmid nu ng nm u)
  end.

Definition run_calls (t : IpcTable) (cs : list ipc_call) : IpcTable := fold_left run_call cs t.

(** Arguments within their types: semaphore values are [u16], sizes [u32]. *)
Definition call_ok (c : ipc_call) : Prop :=
  match c with
  | CSemctlSetAll _ _ vals _ _ => forall v, In v vals -> 0 <= v <= u16_max
  | CSemget _ _ _ _ n _ _ _ => 0 <= n
  | CShmget _ _ _ _ sz _ _ _ _ => 0 <= sz
  | _ => True
  end.

Lemma msgget_ok t adm now k flags u g : table_ok t -> table_ok (fst (msgget t adm now k flags u g)).
Proof.
  intros Ht. unfold msgget. destruct (if k =? IPC_PRIVATE then _ else _) as [q|] eqn:Hk.
  { destruct (_ && _); [done|]. by destruct (ipc_check_perm _ _ _ _ _ _). }
  destruct (_ && _); [done|]. destruct (next_free_id t) as [[i next]|] eqn:Hi; [|done].
  destruct (next_free_generation t) as [[gn ng]|] eqn:Hg; [|done].
  destruct (prepare_io _ _ _); [|done]. apply next_free_id_ok in Hi.
  apply next_free_generation_ok in Hg as [-> ->]. simpl.
  set (q := mkObject _ _ _ _ _ _ _ _ _ _ _ _ _). apply (new_msg_ok t q); auto; [by split|].
  simpl. destruct (Z.eqb_spec k IPC_PRIVATE) as [->|]; [by left|right].
  intros j x Hx. by eapply find_key_None.
Qed.

Lemma semget_ok t mv adm now k n flags u g : 0 <= n -> table_ok t ->
  table_ok (fst (semget t mv adm now k n flags u g)).
Proof.
  intros Hn0 Ht. unfold semget. destruct (if k =? IPC_PRIVATE then _ else _) as [q|] eqn:Hk.
  { destruct (_ && _); [done|]. by destruct (ipc_check_perm _ _ _ _ _ _). }
  destruct (_ && _); [done|]. destruct (_ || _); [done|].
  destruct (next_free_id t) as [[i next]|] eqn:Hi; [|done].
  destruct (next_free_generation t) as [[gn ng]|] eqn:Hg; [|done]. destruct (negb mv); [done|].
  destruct (prepare_io _ _ _); [|done]. apply next_free_id_ok in Hi.
  apply next_free_generation_ok in Hg as [-> ->]. simpl.
  set (q := mkObject _ _ _ _ _ _ _ _ _ _ _ _ _). apply (new_sem_ok t q); auto.
  - split; simpl; [rewrite length_replicate; lia|].
    intros v Hv%list_elem_of_In. apply elem_of_replicate in Hv as [-> _]. vm_compute. split; discriminate.
  - simpl. destruct (Z.eqb_spec k IPC_PRIVATE) as [->|]; [by left|right].
    intros j x Hx. by eapply find_key_None.
Qed.

Lemma shmget_ok t md adm now k sz flags c u g : 0 <= sz -> table_ok t ->
  table_ok (fst (shmget t md adm now k sz flags c u g)).
Proof.
  intros Hsz Ht. unfold shmget. destruct (if k =? IPC_PRIVATE then _ else _) as [q|] eqn:Hk.
  { destruct (_ && _); [done|]. by destruct (ipc_check_perm _ _ _ _ _ _). }
  destruct (_ && _); [done|]. destruct (_ =? 0); [done|].
  destruct (next_free_id t) as [[i next]|] eqn:Hi; [|done]. destruct (negb md); [done|].
  destruct (prepare_io _ _ _); [|done]. apply next_free_id_ok in Hi. simpl.
  unfold used_ids in Hi. rewrite !not_elem_of_union, !not_elem_of_dom in Hi. destruct Hi as [[Hi1 Hi2] Hi3].
  destruct Ht as [H1 H2 [H3 H3'] H4 H5]. split; simpl; auto.
  - set (seg := mkShm _ _ _ _ _ _ _ _ _ _ _ _ _ _ _ _).
    assert (k = IPC_PRIVATE \/ forall j x, shm t !! j = Some x -> shm_key x <> k) as Hkey.
    { destruct (Z.eqb_spec k IPC_PRIVATE) as [->|]; [by left|right]. intros j x Hx. by eapply find_shm_key_None. }
    split.
    + intros j x. rewrite lookup_insert. case_decide; [|by apply H3]. intros [= <-]. subst j.
      simpl. rewrite length_replicate. split; [done|lia].
    + intros j j' x x'. rewrite !lookup_insert. do 2 case_decide; intros E1 E2 Ek Hp; simplify_eq; eauto; exfalso.
      * destruct Hkey as [->|Hkey]; [done|]. by apply (Hkey _ _ E2).
      * destruct Hkey as [Hkey|Hkey]; [simpl in *; congruence|]. by apply (Hkey _ _ E1).
  - intros j. specialize (H4 j). rewrite lookup_insert. case_decide; [subst j|done].
    rewrite Hi1, Hi2. by split_and!; intros [[? ?] [? ?]].
Qed.

(** What a successful or failed pin leaves behind. *)
Lemma pin_object_cases {B} (p : Pool B) fresh adm pub p' r : pin_object p fresh adm pub = (p', r) ->
  (forall i, is_Some (live p' !! i) -> is_Some (live p !! i))
  /\ forall pin next, r = Ok (pin, next) -> exists i, fresh = Ok (i, next).
Proof.
  unfold pin_object, ok_or. destruct (live p !! pub) as [o|] eqn:Ho; [|by intros [= <- <-]].
  cbn [option_map]. destruct fresh as [[i n]|]; [|by intros [= <- <-]].
  destruct (prepare_io _ _ _); [|by intros [= <- <-]]. destruct (checked_add _ _ _); [|by intros [= <- <-]].
  intros [= <- <-]. split.
  - intros j. simpl. by eapply insert_sub.
  - intros pin next [= _ ->]. eauto.
Qed.

Lemma lift_pin_msg_ok t adm qid : table_ok t -> table_ok (fst (pin_msg_queue t adm qid)).
Proof.
  intros Ht. unfold pin_msg_queue, lift_pin.
  destruct (pin_object _ _ _ _) as [p r] eqn:E.
  assert (pool_ok msg_ok (next_generation t) p) as Hp.
  { eapply pin_object_ok; [apply Ht| |exact E]. intros i next Hf.
    by apply next_free_pin_id_ok in Hf as (? & ? & _). }
  apply pin_object_cases in E as [Hsub Hnext].
  pose proof (set_msg_ok t p Ht Hp Hsub) as Hs. destruct r as [[pin next]|e]; [|done].
  destruct Hs as [H1 H2 H3 H4 H5]. split; simpl; auto.
  destruct (Hnext pin next eq_refl) as [i Hf]. by apply next_free_pin_id_ok in Hf as (_ & _ & Hc).
Qed.

Lemma lift_pin_sem_ok t adm qid : table_ok t -> table_ok (fst (pin_sem_set t adm qid)).
Proof.
  intros Ht. unfold pin_sem_set, lift_pin.
  destruct (pin_object _ _ _ _) as [p r] eqn:E.
  assert (pool_ok sem_ok (next_generation t) p) as Hp.
  { eapply pin_object_ok; [apply Ht| |exact E]. intros i next Hf.
    by apply next_free_pin_id_ok in Hf as (? & ? & _). }
  apply pin_object_cases in E as [Hsub Hnext].
  pose proof (set_sem_ok t p Ht Hp Hsub) as Hs. destruct r as [[pin next]|e]; [|done].
  destruct Hs as [H1 H2 H3 H4 H5]. split; simpl; auto.
  destruct (Hnext pin next eq_refl) as [i Hf]. by apply next_free_pin_id_ok in Hf as (_ & _ & Hc).
Qed.

(** Releasing and removing never expose a new public id. *)
Lemma release_pin_sub {B} (p : Pool B) pin i :
  is_Some (live (fst (release_pin p pin)) !! i) -> is_Some (live p !! i).
Proof.
  assert (live (fst (release_tomb p pin)) = live p) as Ht.
  { unfold release_tomb, ok_or. by repeat case_match. }
  unfold release_pin, ok_or. destruct (negb _); [done|].
  destruct (live p !! public_id pin) as [o|] eqn:Ho; [|by rewrite Ht].
  destruct (_ =? _); [|by rewrite Ht]. destruct (checked_sub _ _); [|done]. by eapply insert_sub.
Qed.

Lemma remove_object_sub {B} (p : Pool B) q u i :
  is_Some (live (fst (remove_object p q u)) !! i) -> is_Some (live p !! i).
Proof.
  unfold remove_object, ok_or. destruct (live p !! q); [|done].
  destruct (ipc_check_owner _ _ _); [|done]. simpl. apply delete_sub.
Qed.

Lemma msg_pool_ok t (pr : Pool MsgBody * result unit) : table_ok t ->
  pool_ok msg_ok (next_generation t) (fst pr) ->
  (forall i, is_Some (live (fst pr) !! i) -> is_Some (live (msg t) !! i)) ->
  table_ok (fst (let '(p, r) := pr in (set_msg t p, r))).
Proof. destruct pr as [p r]. simpl. apply set_msg_ok. Qed.

Lemma sem_pool_ok t (pr : Pool SemBody * result unit) : table_ok t ->
  pool_ok sem_ok (next_generation t) (fst pr) ->
  (forall i, is_Some (live (fst pr) !! i) -> is_Some (live (sem t) !! i)) ->
  table_ok (fst (let '(p, r) := pr in (set_sem t p, r))).
Proof. destruct pr as [p r]. simpl. apply set_sem_ok. Qed.

(** Replacing a segment by one with the same id, key and size. *)
Lemma update_shm_ok t i g g' : table_ok t -> shm t !! i = Some g -> shm_id g' = shm_id g ->
  shm_key g' = shm_key g -> segsz g' = segsz g -> length (shm_data g') = length (shm_data g) ->
  table_ok (set_shm t (<[i := g']> (shm t))).
Proof.
  intros Ht Hg E1 E2 E3 E4. destruct (t_shm _ Ht) as [H1 H2]. apply set_shm_ok; [done| |].
  - assert (forall j x, <[i := g']> (shm t) !! j = Some x -> exists y, shm t !! j = Some y
      /\ shm_id x = shm_id y /\ shm_key x = shm_key y /\ segsz x = segsz y
      /\ length (shm_data x) = length (shm_data y)) as Hcase.
    { intros j x. rewrite lookup_insert. case_decide; [intros [= <-]; subst; by exists g|intros; by exists x]. }
    split.
    + intros j x (y & Hy & -> & _ & -> & ->)%Hcase. by apply H1.
    + intros j k x x' (y & Hy & _ & -> & _)%Hcase (y' & Hy' & _ & -> & _)%Hcase. eauto.
  - intros j. by eapply insert_sub.
Qed.

Lemma delete_shm_ok t i : table_ok t -> table_ok (set_shm t (delete i (shm t))).
Proof.
  intros Ht. destruct (t_shm _ Ht) as [H1 H2]. apply set_shm_ok; [done| |intros j; apply delete_sub].
  split.
  - intros j x [_ Hx]%lookup_delete_Some. auto.
  - intros j k x x' [_ Hx]%lookup_delete_Some [_ Hx']%lookup_delete_Some. eauto.
Qed.

Lemma write_chunk_length (start : nat) (d data : list Z) :
  (start <= length d)%nat ->
  let len := Nat.min (length data) (length d - start) in
  length (take start d ++ take len data ++ drop (start + len) d) = length d.
Proof. intros H len. rewrite !length_app, !length_take, length_drop. lia. Qed.

Lemma sem_get_state t semid n u g f : fst (sem_get t semid n u g f) = t.
Proof. unfold sem_get, ok_or. by repeat case_match. Qed.

Lemma semctl_ok t mem now semid n cmd arg u g : table_ok t ->
  table_ok (fst (semctl t mem now semid n cmd arg u g)).
Proof.
  intros Ht. unfold semctl. destruct (_ =? IPC_STAT).
  { unfold ok_or. destruct (live _ !! _); [|done]. by destruct (ipc_check_perm _ _ _ _ _ _). }
  destruct (_ =? IPC_RMID).
  { assert (table_ok (set_sem t (fst (remove_object (sem t) semid u)))) as Hr.
    { apply set_sem_ok; [done| |intros; by eapply remove_object_sub].
      eapply remove_object_ok; [apply Ht|apply surjective_pairing]. }
    destruct (remove_object _ _ _) as [p [|]]; done. }
  destruct (_ =? IPC_SET).
  { apply on_sem_ok; [done|apply found_live|]. intros s Hs. by destruct (ipc_check_owner _ _ _). }
  destruct (_ =? GETVAL); [by rewrite sem_get_state|].
  destruct (_ =? SETVAL); [apply on_sem_ok; [done|apply found_live|apply setval_preserves]|].
  destruct (_ =? GETALL).
  { unfold ok_or. destruct (live _ !! _); [|done]. destruct (ipc_check_perm _ _ _ _ _ _); [|done]. by destruct mem. }
  do 3 (destruct (_ =? _); [by rewrite sem_get_state|]). done.
Qed.

Lemma run_call_ok t c : call_ok c -> table_ok t -> table_ok (run_call t c).
Proof.
  intros Hc Ht. destruct c; simpl.
  - by apply msgget_ok.
  - by apply lift_pin_msg_ok.
  - apply msg_pool_ok; [done| |intros; by eapply release_pin_sub].
    eapply release_pin_ok; [apply Ht|apply surjective_pairing].
  - unfold msgsnd. destruct (_ <=? 0); [done|]. apply on_msg_ok; [done|apply found_live|apply msgsnd_preserves].
  - unfold msgsnd_pinned. destruct (live_for_pin _ _) as [q|] eqn:Hq; [|done]. destruct (_ <=? 0); [done|].
    apply on_msg_ok; [done| |apply msgsnd_preserves]. intros ? [= <-]. by apply found_pin in Hq as [? _].
  - apply on_msg_ok; [done|apply found_live|apply msgrcv_preserves].
  - apply on_msg_ok; [done| |apply msgrcv_preserves]. by intros q [? _]%found_pin.
  - unfold msgctl. destruct (_ =? IPC_STAT).
    { unfold ok_or. destruct (live _ !! _); [|done]. by destruct (ipc_check_perm _ _ _ _ _ _). }
    destruct (_ =? IPC_RMID); [|done].
    assert (table_ok (fst (msgctl_rmid t qid u))) as Hr.
    { apply msg_pool_ok; [done| |intros; by eapply remove_object_sub].
      eapply remove_object_ok; [apply Ht|apply surjective_pairing]. }
    destruct (msgctl_rmid t qid u) as [t' [|]]; done.
  - apply on_msg_ok; [done|apply found_live|]. intros q Hq. cbv beta zeta.
    destruct (ipc_check_owner _ _ _); [|done]. by destruct (_ && _).
  - by apply semget_ok.
  - by apply lift_pin_sem_ok.
  - apply sem_pool_ok; [done| |intros; by eapply release_pin_sub].
    eapply release_pin_ok; [apply Ht|apply surjective_pairing].
  - apply on_sem_ok; [done|apply found_live|apply semop_preserves].
  - apply on_sem_ok; [done| |apply semop_preserves]. by intros q [? _]%found_pin.
  - by apply semctl_ok.
  - apply on_sem_ok; [done|apply found_live|by apply set_all_preserves].
  - by apply shmget_ok.
  - unfold shmat, ok_or. destruct (shm t !! _) as [gs|] eqn:Hg; [|done].
    destruct (ipc_check_perm _ _ _ _ _ _); [|done]. by eapply update_shm_ok.
  - unfold shmdt, ok_or. destruct (shm t !! _) as [gs|] eqn:Hg; [|done]. by eapply update_shm_ok.
  - unfold shm_write_chunk, ok_or. destruct (shm t !! _) as [gs|] eqn:Hg; [|done].
    destruct (Z.leb_spec (lenZ (shm_data gs)) offset); [done|]. eapply update_shm_ok; [done..|].
    apply write_chunk_length. lia.
  - unfold shmctl, ok_or. destruct (_ =? IPC_STAT).
    { destruct (shm t !! _); [|done]. by destruct (ipc_check_perm _ _ _ _ _ _). }
    destruct (_ =? IPC_RMID); [|done]. destruct (shm t !! _); [|done].
    destruct (ipc_check_owner _ _ _); [|done]. by apply delete_shm_ok.
  - unfold shmctl_set, ok_or. destruct (shm t !! _) as [gs|] eqn:Hg; [|done].
    destruct (ipc_check_owner _ _ _); [|done]. by eapply update_shm_ok.
Qed.

Lemma run_calls_ok cs t : (forall c, In c cs -> call_ok c) -> table_ok t -> table_ok (run_calls t cs).
Proof.
  revert t. induction cs as [|c cs IH]; intros t Hcs Ht; simpl; [done|].
  apply IH; [auto with kandelo|]. apply run_call_ok; auto with kandelo.
Qed.

(** ** Theorems *)

(** C16. Invariant. In every table reachable from the empty one a public id
    names at most one object of any kind and a key at most one of each kind;
    a removed object survives exactly while it is pinned; pin counts are the
    number of pins; the byte account of a message queue is the sum of its
    messages; semaphore sets have their size and [u16] values; segments have
    their size. *)
Theorem ipc_invariant cs : (forall c, In c cs -> call_ok c) -> table_ok (run_calls new cs).
Proof. intros H. by apply run_calls_ok, table_ok_new. Qed.

(** Create a queue, send twice, pin it, remove it, create another. *)
Definition witness_calls : list ipc_call :=
  [CMsgget true 5 77 (IPC_CREAT + 432) 10 10;
   CMsgsnd 0 6 3 [1; 2] 40 10 10 true true; CMsgsnd 0 6 4 [3] 40 10 10 true true;
   CPinMsg true 0; CMsgctl 0 IPC_RMID 10 10; CMsgget true 9 77 (IPC_CREAT + 432) 10 10].

Lemma ipc_witness_calls_ok c : In c witness_calls -> call_ok c.
Proof. intros [<-|[<-|[<-|[<-|[<-|[<-|[]]]]]]]; exact I. Qed.

Lemma ipc_invariant_witness : table_ok (run_calls new witness_calls).
Proof. apply (ipc_invariant witness_calls ipc_witness_calls_ok). Defined.

(** Identifier allocation. [next_free_id_bounded] gives an id in the domain
    that no live queue, set or segment has, and fails, with ENOSPC, only when
    every id of the domain is in use. *)
Theorem next_free_id_complete t max_id : 0 <= max_id ->
  match next_free_id_bounded t max_id with
  | Ok (i, next) => 0 <= i <= max_id /\ 0 <= next <= max_id /\ public_id_in_use t i = false
  | Err e => e = ENOSPC /\ forall i, 0 <= i <= max_id -> public_id_in_use t i = true
  end.
Proof.
  intros Hm. pose proof (next_free_id_spec t max_id Hm) as H.
  destruct (next_free_id_bounded t max_id) as [[i next]|e].
  - rewrite <- public_id_in_use_spec, not_true_iff_false in H. done.
  - split; [apply H|]. intros i Hi. by apply public_id_in_use_spec, H.
Qed.

Lemma next_free_id_complete_witness :
  public_id_in_use (run_calls new witness_calls) 1 = true
  /\ match next_free_id_bounded (run_calls new witness_calls) 1 with
     | Ok (i, next) => 0 <= i <= 1 /\ 0 <= next <= 1
         /\ public_id_in_use (run_calls new witness_calls) i = false
     | Err e => e = ENOSPC
         /\ forall i, 0 <= i <= 1 -> public_id_in_use (run_calls new witness_calls) i = true
     end.
Proof.
  split; [vm_compute; reflexivity|].
  apply (next_free_id_complete (run_calls new witness_calls) 1). lia.
Defined.

(** ** Generations are never resurrected *)

(** Every live queue of [t'] with a generation that [t] had already given out
    is a live queue of [t], under the same id. *)
Definition older (t t' : IpcTable) : Prop :=
  next_generation t <= next_generation t'
  /\ forall i o', live (msg t') !! i = Some o' -> generation o' < next_generation t ->
       exists o, live (msg t) !! i = Some o /\ generation o = generation o'.

#[global] Instance older_preorder : PreOrder older.
Proof.
  split.
  - intros t. split; [done|]. eauto.
  - intros a b c [H1 H2] [H3 H4]. split; [lia|]. intros i o Ho Hg.
    destruct (H4 i o Ho ltac:(lia)) as (o1 & Ho1 & E1). destruct (H2 i o1 Ho1 ltac:(lia)) as (o2 & ? & ?).
    exists o2. split; [done|congruence].
Qed.

Lemma older_same t t' : next_generation t <= next_generation t' -> msg t' = msg t -> older t t'.
Proof. intros H E. split; [done|]. rewrite E. eauto. Qed.

Lemma older_live t p : (forall i o', live p !! i = Some o' ->
    exists o, live (msg t) !! i = Some o /\ generation o = generation o') -> older t (set_msg t p).
Proof. intros H. split; [done|]. simpl. eauto. Qed.

Lemma older_on_msg {A} t pub found (f : MsgQueue -> MsgQueue * result A) : table_ok t ->
  (forall q, found = Ok q -> live (msg t) !! pub = Some q) -> preserves msg_ok f ->
  older t (fst (on_msg t pub found f)).
Proof.
  intros Ht Hf Hp. unfold on_msg. destruct found as [q|]; [|reflexivity]. specialize (Hf q eq_refl).
  destruct (p_live _ _ _ (t_msg _ Ht) _ _ Hf) as (_ & _ & _ & _ & Hb).
  destruct (Hp q Hb) as [Hh _]. destruct (f q) as [q' r]. simpl in *. apply older_live. simpl.
  intros i o. rewrite lookup_insert. case_decide; [|eauto]. intros [= <-]. subst. exists q.
  split; [done|]. symmetry. apply Hh.
Qed.

Lemma older_release {B} (p : Pool B) pin i o' : live (fst (release_pin p pin)) !! i = Some o' ->
  exists o, live p !! i = Some o /\ generation o = generation o'.
Proof.
  assert (live (fst (release_tomb p pin)) = live p) as Ht.
  { unfold release_tomb, ok_or. by repeat case_match. }
  unfold release_pin, ok_or. destruct (negb _); [eauto|].
  destruct (live p !! public_id pin) as [o|] eqn:Ho; [|rewrite Ht; eauto].
  destruct (_ =? _); [|rewrite Ht; eauto]. destruct (checked_sub _ _); [|eauto]. simpl.
  rewrite lookup_insert. case_decide; [|eauto]. intros [= <-]. subst. eauto.
Qed.

Lemma older_pin t adm qid : older t (fst (pin_msg_queue t adm qid)).
Proof.
  unfold pin_msg_queue, lift_pin, pin_object, ok_or.
  destruct (live (msg t) !! qid) as [o|] eqn:Ho; [|by apply older_same]. cbn [option_map].
  destruct (next_free_pin_id t) as [[i n]|]; [|by apply older_same].
  destruct (prepare_io _ _ _); [|by apply older_same]. destruct (checked_add _ _ _); [|by apply older_same].
  split; [done|]. simpl. intros j o'. rewrite lookup_insert. case_decide; [|eauto].
  intros [= <-] _. subst. eauto.
Qed.

Lemma older_msgget t adm now k flags u g : older t (fst (msgget t adm now k flags u g)).
Proof.
  unfold msgget. destruct (if k =? IPC_PRIVATE then _ else _) as [q|].
  { destruct (_ && _); [reflexivity|]. by destruct (ipc_check_perm _ _ _ _ _ _). }
  destruct (_ && _); [reflexivity|]. destruct (next_free_id t) as [[i next]|]; [|reflexivity].
  destruct (next_free_generation t) as [[gn ng]|] eqn:Hg; [|reflexivity].
  destruct (prepare_io _ _ _); [|reflexivity]. apply next_free_generation_ok in Hg as [-> ->].
  split; simpl; [lia|]. intros j o'. rewrite lookup_insert. case_decide; [|eauto].
  intros [= <-]. simpl. lia.
Qed.

Lemma older_semget t mv adm now k n flags u g : older t (fst (semget t mv adm now k n flags u g)).
Proof.
  unfold semget. destruct (if k =? IPC_PRIVATE then _ else _) as [q|].
  { destruct (_ && _); [reflexivity|]. by destruct (ipc_check_perm _ _ _ _ _ _). }
  destruct (_ && _); [reflexivity|]. destruct (_ || _); [reflexivity|].
  destruct (next_free_id t) as [[i next]|]; [|reflexivity].
  destruct (next_free_generation t) as [[gn ng]|] eqn:Hg; [|reflexivity]. destruct (negb mv); [reflexivity|].
  destruct (prepare_io _ _ _); [|reflexivity]. apply next_free_generation_ok in Hg as [-> ->].
  apply older_same; simpl; [lia|done].
Qed.

(** The calls on semaphores and segments leave the queues alone. *)
Definition keeps_msg (t t' : IpcTable) : Prop :=
  next_generation t' = next_generation t /\ msg t' = msg t.

Lemma on_sem_keeps {A} t pub found (f : SemSet -> SemSet * result A) : keeps_msg t (fst (on_sem t pub found f)).
Proof. unfold on_sem. destruct found as [s|]; [|done]. by destruct (f s). Qed.

Lemma older_keeps t t' : keeps_msg t t' -> older t t'.
Proof. intros [H1 H2]. apply older_same; [lia|done]. Qed.

Lemma semctl_keeps t mem now semid n cmd arg u g : keeps_msg t (fst (semctl t mem now semid n cmd arg u g)).
Proof.
  unfold semctl. repeat (destruct (_ =? _); [|]); rewrite ?sem_get_state; try apply on_sem_keeps; try done.
  - unfold ok_or. destruct (live _ !! _); [|done]. by destruct (ipc_check_perm _ _ _ _ _ _).
  - by destruct (remove_object _ _ _) as [p [|]].
  - unfold ok_or. destruct (live _ !! _); [|done]. destruct (ipc_check_perm _ _ _ _ _ _); [|done]. by destruct mem.
Qed.

Lemma shm_calls_keep t :
  (forall md adm now k sz flags c u g, keeps_msg t (fst (shmget t md adm now k sz flags c u g)))
  /\ (forall now i c flags u g, keeps_msg t (fst (shmat t now i c flags u g)))
  /\ (forall now i c, keeps_msg t (fst (shmdt t now i c)))
  /\ (forall i off d, keeps_msg t (fst (shm_write_chunk t i off d)))
  /\ (forall i cmd u g, keeps_msg t (fst (shmctl t i cmd u g)))
  /\ (forall now i nu ng nm u, keeps_msg t (fst (shmctl_set t now i nu ng nm u))).
Proof.
  unfold shmget, shmat, shmdt, shm_write_chunk, shmctl, shmctl_set, ok_or.
  split_and!; intros; repeat case_match; simplify_eq/=; done.
Qed.

Lemma run_call_older t c : table_ok t -> older t (run_call t c).
Proof.
  intros Ht. pose proof (shm_calls_keep t) as (K1 & K2 & K3 & K4 & K5 & K6).
  destruct c; simpl; try (apply older_keeps; auto using on_sem_keeps, semctl_keeps; fail).
  - apply older_msgget.
  - apply older_pin.
  - unfold release_msg_queue_pin. destruct (release_pin (msg t) pin) as [p r] eqn:E. apply older_live.
    intros i o' Ho. apply (older_release (msg t) pin). by rewrite E.
  - unfold msgsnd. destruct (_ <=? 0); [reflexivity|].
    apply older_on_msg; [done|apply found_live|apply msgsnd_preserves].
  - unfold msgsnd_pinned. destruct (live_for_pin _ _) as [q|] eqn:Hq; [|reflexivity].
    destruct (_ <=? 0); [reflexivity|]. apply older_on_msg; [done| |apply msgsnd_preserves].
    intros ? [= <-]. by apply found_pin in Hq as [? _].
  - apply older_on_msg; [done|apply found_live|apply msgrcv_preserves].
  - apply older_on_msg; [done| |apply msgrcv_preserves]. by intros q [? _]%found_pin.
  - unfold msgctl, msgctl_rmid. destruct (_ =? IPC_STAT).
    { unfold ok_or. destruct (live _ !! _); [|reflexivity]. by destruct (ipc_check_perm _ _ _ _ _ _). }
    destruct (_ =? IPC_RMID); [|reflexivity]. unfold remove_object, ok_or.
    destruct (live (msg t) !! qid) as [o|] eqn:Ho; [|by apply older_same].
    destruct (ipc_check_owner _ _ _); [|by apply older_same]. simpl. apply older_live. simpl.
    intros i o' [_ ?]%lookup_delete_Some. eauto.
  - apply older_on_msg; [done|apply found_live|]. intros q Hq. cbv beta zeta.
    destruct (ipc_check_owner _ _ _); [|done]. by destruct (_ && _).
  - apply older_semget.
  - unfold pin_sem_set, lift_pin. destruct (pin_object _ _ _ _) as [p [[pin next]|]]; by apply older_same.
  - unfold release_sem_set_pin. destruct (release_pin _ _). by apply older_same.
  - apply older_keeps, on_sem_keeps.
  - apply older_keeps, on_sem_keeps.
  - apply older_keeps, on_sem_keeps.
Qed.

Lemma run_calls_older cs t : (forall c, In c cs -> call_ok c) -> table_ok t -> older t (run_calls t cs).
Proof.
  revert t. induction cs as [|c cs IH]; intros t Hcs Ht; [reflexivity|].
  transitivity (run_call t c); [by apply run_call_older|].
  apply IH; [auto with kandelo|]. apply run_call_ok; auto with kandelo.
Qed.

(** C19. A capability never follows a reused id. Once the queue generation a pin
    retains is no longer the live object behind its public id, every later
    send or receive through the pin is EIDRM and changes nothing, whatever
    calls come in between, in particular when the id or the key is reused by a
    new queue. *)
Theorem pinned_generation_never_redirected t pin cs :
  table_ok t -> (forall c, In c cs -> call_ok c) ->
  pin_generation pin < next_generation t ->
  (forall q, live (msg t) !! public_id pin = Some q -> generation q <> pin_generation pin) ->
  let t' := run_calls t cs in
  (forall now mt d s u g m1 m2, msgsnd_pinned t' pin now mt d s u g m1 m2 = (t', Err EIDRM))
  /\ (forall now mx mt mo fl r u g, msgrcv_pinned t' pin now mx mt mo fl r u g = (t', Err EIDRM)).
Proof.
  intros Ht Hcs Hg Hne t'. destruct (run_calls_older cs t Hcs Ht) as [_ Hold].
  assert (live_for_pin (msg t') pin = Err EIDRM) as He.
  { unfold live_for_pin. destruct (negb _); [done|].
    destruct (live (msg t') !! public_id pin) as [o|] eqn:Ho; [|done].
    destruct (Z.eqb_spec (generation o) (pin_generation pin)) as [E|]; [|done].
    destruct (Hold _ _ Ho) as (o0 & Ho0 & E0); [lia|]. by destruct (Hne o0 Ho0); congruence. }
  split; intros; unfold msgsnd_pinned, msgrcv_pinned, on_msg; by rewrite He.
Qed.

Lemma pinned_generation_never_redirected_witness :
  let t' := run_calls (run_calls new (take 5 witness_calls)) (drop 5 witness_calls) in
  msgrcv_pinned t' (mkPin 1 0 1) 9 100 0 i64_max 0 50 10 10 = (t', Err EIDRM).
Proof.
  apply (pinned_generation_never_redirected (run_calls new (take 5 witness_calls)) (mkPin 1 0 1)
    (drop 5 witness_calls)).
  - apply run_calls_ok; [|apply table_ok_new]. intros c Hc. apply ipc_witness_calls_ok. simpl in *. tauto.
  - intros c Hc. apply ipc_witness_calls_ok. simpl in *. tauto.
  - vm_compute. reflexivity.
  - vm_compute. discriminate.
Defined.

(** ** Receiving *)

(** The messages a receive may take. *)
Definition matches (msgtype : Z) (except : bool) (m : MsgEntry) : bool :=
  if msgtype =? 0 then true
  else if 0 <? msgtype then (if except then negb (mtype m =? msgtype) else mtype m =? msgtype)
  else mtype m <=? Z.min (Z.abs msgtype) i64_max.

Lemma select_message_position ms msgtype except :
  select_message ms msgtype except = position (matches msgtype except) ms.
Proof.
  unfold select_message, matches. destruct (msgtype =? 0); [by destruct ms|].
  destruct (0 <? msgtype); [by destruct except|done].
Qed.

(** Receive. When the caller may read, a receive takes the first queued
    message that matches the requested type: with none it is ENOMSG under
    IPC_NOWAIT and EAGAIN otherwise, with one whose type does not fit the
    caller it is EOVERFLOW, with one too large it is E2BIG unless MSG_NOERROR
    truncates the copy, and no error consumes anything; on success exactly
    that message leaves the queue. *)
Theorem msgrcv_takes_first_match q now mx mt mo fl r u g :
  ipc_has_perm u g (uid q) (gid q) (mode q) IPC_R = true ->
  let ms := messages (body q) in
  let wanted := matches mt (has_flag fl MSG_EXCEPT) in
  let out := msgrcv_queue q now mx mt mo fl r u g in
  (existsb wanted ms = false ->
     out = (q, Err (if has_flag fl IPC_NOWAIT then ENOMSG else EAGAIN)))
  /\ forall l1 m l2, ms = l1 ++ m :: l2 -> existsb wanted l1 = false -> wanted m = true ->
     if mo <? mtype m then out = (q, Err EOVERFLOW)
     else if (mx <? lenZ (mdata m)) && negb (has_flag fl MSG_NOERROR) then out = (q, Err E2BIG)
     else messages (body (fst out)) = l1 ++ l2
       /\ snd out = Ok (mkMsg (mtype m) (take (Z.to_nat (Z.min (lenZ (mdata m)) mx)) (mdata m))).
Proof.
  intros Hperm ms wanted out.
  assert (forall l, existsb wanted l = false -> forall x, In x l -> wanted x = false) as Hex.
  { intros l Hl x Hx. destruct (wanted x) eqn:E; [|done].
    apply not_true_iff_false in Hl. destruct Hl. apply existsb_exists. eauto. }
  unfold out, msgrcv_queue, ipc_check_perm. rewrite Hperm, select_message_position. fold wanted ms. split.
  - intros Hnone. by rewrite (proj2 (position_None wanted ms)) by (by apply Hex).
  - intros l1 m l2 E Hl1 Hm.
    assert (position wanted ms = Some (length l1)) as ->.
    { rewrite E. clear E. induction l1 as [|x l1 IH]; simpl in *; [by rewrite Hm|].
      apply orb_false_iff in Hl1 as [-> Hl1]. by rewrite IH. }
    cbn [mbind option_bind]. rewrite E, (list_lookup_middle l1 l2 m (length l1)) by done.
    cbn [mbind option_bind]. destruct (mo <? mtype m); [done|]. destruct (_ && _); [done|]. simpl.
    split; [|done]. unfold remove_at.
    by rewrite take_app_length, drop_app_ge, Nat.sub_succ_l, Nat.sub_diag by lia.
Qed.

Definition witness_queue : MsgQueue :=
  mkObject 7 0 1 0 false 432 10 10 10 10 0 0
    (mkMsgBody MSGMNB [mkMsg 3 [1; 2]; mkMsg 4 [5]; mkMsg 3 [6]] 4 0 0 0 0).

Lemma msgrcv_takes_first_match_witness :
  messages (body (fst (msgrcv_queue witness_queue 0 8 4 i64_max 0 1 10 10)))
    = [mkMsg 3 [1; 2]] ++ [mkMsg 3 [6]]
  /\ snd (msgrcv_queue witness_queue 0 8 4 i64_max 0 1 10 10) = Ok (mkMsg 4 [5]).
Proof.
  apply (proj2 (msgrcv_takes_first_match witness_queue 0 8 4 i64_max 0 1 10 10
    ltac:(reflexivity)) [mkMsg 3 [1; 2]] (mkMsg 4 [5]) [mkMsg 3 [6]]); reflexivity.
Defined.

(** ** Semaphore operations *)

(** What a list of operations adds to semaphore [i]. *)
Definition delta (i : nat) (sops : list SemOp) : Z :=
  foldr (fun op n => (if bool_decide (Z.to_nat (num op) = i) then sop op else 0) + n) 0 sops.

Lemma as_u16_id x : 0 <= x <= u16_max -> as_u16 x = x.
Proof. intros H. unfold as_u16. apply Z.mod_small. unfold u16_max in H. lia. Qed.

Lemma as_u16_add x y : as_u16 (as_u16 x + y) = as_u16 (x + y).
Proof. unfold as_u16. by rewrite Z.add_mod_idemp_l by lia. Qed.

Lemma semop_apply_lookup c sops vs i v : vs !! i = Some v -> 0 <= val v <= u16_max ->
  exists v', semop_apply c vs sops !! i = Some v' /\ val v' = as_u16 (val v + delta i sops).
Proof.
  unfold semop_apply. revert vs v. induction sops as [|op sops IH]; intros vs v Hv Hr; simpl.
  { exists v. split; [done|]. by rewrite Z.add_0_r, as_u16_id. }
  unfold semop_apply_one at 2. case_bool_decide as Hi.
  - destruct (IH (alter (fun s => mkSem (if sop op =? 0 then val s else as_u16 (val s + sop op)) c
      (ncnt s) (zcnt s)) (Z.to_nat (num op)) vs)
      (mkSem (if sop op =? 0 then val v else as_u16 (val v + sop op)) c (ncnt v) (zcnt v)))
      as (v' & H1 & H2).
    + rewrite Hi, list_lookup_alter_eq, Hv. done.
    + simpl. destruct (_ =? 0); [done|apply as_u16_range].
    + exists v'. split; [exact H1|]. rewrite H2. simpl. destruct (Z.eqb_spec (sop op) 0) as [->|]; [done|].
      rewrite as_u16_add. f_equal. lia.
  - destruct (IH (alter (fun s => mkSem (if sop op =? 0 then val s else as_u16 (val s + sop op)) c
      (ncnt s) (zcnt s)) (Z.to_nat (num op)) vs) v) as (v' & H1 & H2); [|done|by exists v'].
    by rewrite list_lookup_alter_ne.
Qed.

Lemma delta_absent i sops : (forall op, In op sops -> Z.to_nat (num op) <> i) -> delta i sops = 0.
Proof.
  induction sops as [|op sops IH]; simpl; [done|]. intros H.
  rewrite bool_decide_eq_false_2, IH by auto. done.
Qed.

Lemma delta_distinct i sops b : List.NoDup (map (fun op => Z.to_nat (num op)) sops) ->
  semop_validate b sops = Ok tt -> forall v, values b !! i = Some v -> 0 <= val v ->
  0 <= val v + delta i sops.
Proof.
  induction sops as [|op sops IH]; intros Hnd Hval v Hv Hpos; simpl in *; [lia|].
  inversion Hnd as [|? ? Hnotin Hnd']; subst.
  destruct (if nsems b <=? num op then None else values b !! Z.to_nat (num op)) as [cur|] eqn:Hc; [|done].
  destruct ((sop op <? 0) && (val cur + sop op <? 0)) eqn:E1; [done|].
  destruct ((sop op =? 0) && negb (val cur =? 0)); [done|].
  specialize (IH Hnd' Hval v Hv Hpos). case_bool_decide as Hi; [|lia].
  rewrite delta_absent by (intros op' Hop' E; apply Hnotin; rewrite Hi, <- E; by apply (in_map (fun op => Z.to_nat (num op)))).
  destruct (nsems b <=? num op); [done|]. rewrite Hi, Hv in Hc. injection Hc as <-.
  to_prop. destruct E1; to_prop; lia.
Qed.

(** Semaphore operations. A failing [semop] changes nothing. A successful one
    adds to every semaphore the sum of the operations on it, truncated to 16
    bits; when no semaphore occurs twice in the list, the sum never goes below
    zero, so a decrement never wraps. *)
Theorem semop_effect s now sops c u g : sem_ok (body s) ->
  (forall e, snd (semop_set s now sops c u g) = Err e -> fst (semop_set s now sops c u g) = s)
  /\ (snd (semop_set s now sops c u g) = Ok tt ->
      forall i v, values (body s) !! i = Some v ->
      (exists v', values (body (fst (semop_set s now sops c u g))) !! i = Some v'
         /\ val v' = as_u16 (val v + delta i sops))
      /\ (List.NoDup (map (fun op => Z.to_nat (num op)) sops) -> 0 <= val v + delta i sops)).
Proof.
  intros [Hl Hv]. unfold semop_set. destruct (ipc_check_perm _ _ _ _ _ _); [|done].
  destruct (semop_validate (body s) sops) as [[]|] eqn:Hval; [|done]. simpl. split; [done|].
  intros _ i v Hi. assert (0 <= val v <= u16_max) as Hr.
  { apply Hv, list_elem_of_In. by eapply list_elem_of_lookup_2. }
  split; [by apply semop_apply_lookup|]. intros Hnd. apply (delta_distinct i sops (body s)); auto. lia.
Qed.

Definition witness_set (v : Z) : SemSet :=
  mkObject 7 0 1 0 false 432 10 10 10 10 0 0 (mkSemBody 2 [mkSem v 0 0 0; mkSem 4 0 0 0] 0).

Lemma semop_effect_witness :
  (exists v', values (body (fst (semop_set (witness_set 3) 0 [mkSemOp 0 (-2) 0; mkSemOp 1 5 0] 1 10 10))) !! 1%nat
     = Some v' /\ val v' = as_u16 (4 + 5))
  /\ (List.NoDup [0%nat; 1%nat] -> 0 <= 4 + 5).
Proof.
  apply (proj2 (semop_effect (witness_set 3) 0 [mkSemOp 0 (-2) 0; mkSemOp 1 5 0] 1 10 10
    ltac:(split; [reflexivity|intros v [<-|[<-|[]]]; vm_compute; split; discriminate]))
    ltac:(reflexivity) 1%nat (mkSem 4 0 0 0) ltac:(reflexivity)).
Defined.

(** Two decrements of one semaphore are each checked against the value
    before the call, so both pass on a semaphore of value 1, and the value
    wraps to 65535. *)
Theorem semop_repeated_decrement_wraps :
  let out := semop_set (witness_set 1) 0 [mkSemOp 0 (-1) 0; mkSemOp 0 (-1) 0] 1 10 10 in
  snd out = Ok tt /\ map val (values (body (fst out))) = [65535; 4].
Proof. split; reflexivity. Qed.

(** Shared memory. A write inside a segment is complete and a read of the
    same range gives the bytes back; a read of a range before or after it sees
    what it saw before. *)
Theorem shm_write_read t i g off data n off' : shm t !! i = Some g ->
  0 <= off -> off + lenZ data <= lenZ (shm_data g) -> data <> [] -> 0 <= off' ->
  let out := shm_write_chunk t i off data in
  snd out = Ok (lenZ data)
  /\ shm_read_chunk (fst out) i off (length data) = Ok data
  /\ (off' + Z.of_nat n <= off \/ off + lenZ data <= off' ->
      shm_read_chunk (fst out) i off' n = shm_read_chunk t i off' n).
Proof.
  intros Hg Ho Hfit Hne Ho' out. unfold out, shm_write_chunk, shm_read_chunk. rewrite Hg. cbn [ok_or].
  set (d := shm_data g) in *. assert (0 < lenZ data) by (destruct data; [done|simpl; lia]).
  rewrite (proj2 (Z.leb_gt _ _)) by lia.
  assert (Nat.min (length data) (length d - Z.to_nat off) = length data) as -> by lia.
  rewrite (take_ge data) by done. cbn [fst snd set_shm shm]. rewrite lookup_insert_eq.
  cbn [ok_or with_data shm_data]. set (o := Z.to_nat off) in *.
  assert (length (take o d) = o) as Hto by (rewrite length_take; lia).
  assert (lenZ (take o d ++ data ++ drop (o + length data) d) = lenZ d) as ->
    by (rewrite !length_app, length_drop, length_take; lia).
  rewrite (proj2 (Z.leb_gt _ _)) by lia. split_and!; [done| |].
  - rewrite drop_app_length' by done. by rewrite take_app_length.
  - intros Hsep. destruct (Z.leb_spec (lenZ d) off'); [done|]. f_equal. set (o' := Z.to_nat off') in *.
    destruct Hsep as [Hbefore|Hafter].
    + rewrite drop_app_le by lia. rewrite take_app_le by (rewrite length_drop, length_take; lia).
      rewrite <- (take_drop o d) at 2. rewrite drop_app_le by lia.
      by rewrite (take_app_le (drop o' (take o d))) by (rewrite length_drop, length_take; lia).
    + rewrite drop_app_ge by lia. rewrite drop_app_ge by lia. rewrite drop_drop. do 2 f_equal. lia.
Qed.

Definition witness_shm : IpcTable :=
  run_calls new [CShmget true true 0 5 8 (IPC_CREAT + 432) 1 10 10].

Lemma shm_write_read_witness :
  shm_read_chunk (fst (shm_write_chunk witness_shm 0 3 [7; 8])) 0 3 2 = Ok [7; 8].
Proof.
  apply (shm_write_read witness_shm 0 (default (mkShm 0 0 0 0 0 0 0 0 [] 0 0 0 0 0 0 0) (shm witness_shm !! 0))
    3 [7; 8] 2 0); vm_compute; done || discriminate || reflexivity.
Defined.
