(* ===== verification/Pshared.v ===== *)
(** * Process-shared synchronisation (crates/runtime-core/src/pshared.rs)

    The kernel tables behind PTHREAD_PROCESS_SHARED mutexes, condition
    variables and barriers. A call that has to block returns EAGAIN and the
    host repeats it, so a blocked process is a process that will call again;
    a run is the sequence of calls in the order the kernel serves them.

    [BTreeMap] is [gmap], the waiter queues are lists. *)

From S2P Require Import Prelude.

Definition MUTEX_TYPE_RECURSIVE : Z := 1.
Definition MUTEX_TYPE_ERRORCHECK : Z := 2.
Definition PTHREAD_BARRIER_SERIAL_THREAD : Z := -1.

Record PSharedMutex : Type := mkMutex { owner : Z; recursive_count : Z; mtype : Z }.
Record CondWaiter : Type := mkCondWaiter { cw_pid : Z; cw_mutex : Z; signaled : bool }.
Record BarrierWaiter : Type := mkBarrierWaiter { bw_pid : Z; is_serial : bool; released : bool }.
Record PSharedBarrier : Type := mkBarrier { count : Z; arrivals : list BarrierWaiter }.

(** A [PSharedCond] is its queue of waiters. *)
Record PSharedTable : Type := mkTable {
  mutexes : gmap Z PSharedMutex;
  conds : gmap Z (list CondWaiter);
  barriers : gmap Z PSharedBarrier;
  next_id : Z;
}.

Definition new : PSharedTable := mkTable ∅ ∅ ∅ 1.

Definition set_mutexes (t : PSharedTable) ms := mkTable ms (conds t) (barriers t) (next_id t).
Definition set_conds (t : PSharedTable) cs := mkTable (mutexes t) cs (barriers t) (next_id t).
Definition set_barriers (t : PSharedTable) bs := mkTable (mutexes t) (conds t) bs (next_id t).

(** [alloc_id]: the counter wraps past 0. *)
Definition alloc_id (t : PSharedTable) : PSharedTable * Z :=
  let next := wrapping_add 32 (next_id t) 1 in
  (mkTable (mutexes t) (conds t) (barriers t) (if next =? 0 then 1 else next), next_id t).

(** ** Mutexes *)

Definition mutex_init (t : PSharedTable) (ty : Z) : PSharedTable * Z :=
  let '(t, id) := alloc_id t in
  (set_mutexes t (<[id := mkMutex 0 0 (Z.land ty 15)]> (mutexes t)), id).

Definition mutex_destroy (t : PSharedTable) (id : Z) : PSharedTable * result unit :=
  let? m := ok_or (mutexes t !! id) EINVAL orelse t in
  if negb (owner m =? 0) then (t, Err EBUSY)
  else (set_mutexes t (delete id (mutexes t)), Ok tt).

Definition set_mutex (t : PSharedTable) (id : Z) (m : PSharedMutex) : PSharedTable :=
  set_mutexes t (<[id := m]> (mutexes t)).

Definition mutex_trylock (t : PSharedTable) (id pid : Z) : PSharedTable * result unit :=
  let? m := ok_or (mutexes t !! id) EINVAL orelse t in
  if owner m =? 0 then (set_mutex t id (mkMutex pid 0 (mtype m)), Ok tt)
  else if owner m =? pid then
    if mtype m =? MUTEX_TYPE_RECURSIVE then
      (set_mutex t id (mkMutex (owner m) (saturating_add u32_max (recursive_count m) 1) (mtype m)), Ok tt)
    else if mtype m =? MUTEX_TYPE_ERRORCHECK then (t, Err EDEADLK)
    else (t, Err EBUSY)
  else (t, Err EBUSY).

Definition mutex_lock (t : PSharedTable) (id pid : Z) : PSharedTable * result unit :=
  match mutex_trylock t id pid with
  | (t', Err EBUSY) => (t', Err EAGAIN)
  | out => out
  end.

Definition mutex_unlock (t : PSharedTable) (id pid : Z) : PSharedTable * result unit :=
  let? m := ok_or (mutexes t !! id) EINVAL orelse t in
  if negb (owner m =? pid) then (t, Err EPERM)
  else if (mtype m =? MUTEX_TYPE_RECURSIVE) && (0 <? recursive_count m) then
    (set_mutex t id (mkMutex (owner m) (recursive_count m - 1) (mtype m)), Ok tt)
  else (set_mutex t id (mkMutex 0 0 (mtype m)), Ok tt).

(** ** Condition variables *)

Definition cond_init (t : PSharedTable) : PSharedTable * Z :=
  let '(t, id) := alloc_id t in (set_conds t (<[id := []]> (conds t)), id).

Definition cond_destroy (t : PSharedTable) (id : Z) : PSharedTable * result unit :=
  let? ws := ok_or (conds t !! id) EINVAL orelse t in
  if negb (bool_decide (ws = [])) then (t, Err EBUSY)
  else (set_conds t (delete id (conds t)), Ok tt).

Definition waits_for (pid : Z) (w : CondWaiter) : bool := cw_pid w =? pid.

(** The mutex is released before the condition variable is looked up. *)
Definition cond_wait_begin (t : PSharedTable) (cond_id mutex_id pid : Z) : PSharedTable * result unit :=
  let? m := ok_or (mutexes t !! mutex_id) EINVAL orelse t in
  if negb (owner m =? pid) then (t, Err EPERM)
  else
    let t := set_mutex t mutex_id (mkMutex 0 0 (mtype m)) in
    let? ws := ok_or (conds t !! cond_id) EINVAL orelse t in
    let ws := if existsb (waits_for pid) ws then ws else ws ++ [mkCondWaiter pid mutex_id false] in
    (set_conds t (<[cond_id := ws]> (conds t)), Ok tt).

Definition cond_wait_check (t : PSharedTable) (cond_id mutex_id pid : Z) : PSharedTable * result unit :=
  let? ws := ok_or (conds t !! cond_id) EINVAL orelse t in
  let? idx := ok_or (position (waits_for pid) ws) EINVAL orelse t in
  let? w := ok_or (ws !! idx) EINVAL orelse t in
  if negb (cw_mutex w =? mutex_id) then (t, Err EINVAL)
  else if negb (signaled w) then (t, Err EAGAIN)
  else
    let? m := ok_or (mutexes t !! mutex_id) EINVAL orelse t in
    if negb (owner m =? 0) && negb (owner m =? pid) then (t, Err EAGAIN)
    else
      let t := set_mutex t mutex_id (mkMutex pid 0 (mtype m)) in
      (set_conds t (<[cond_id := remove_at idx ws]> (conds t)), Ok tt).

Definition drop_waiter (pid : Z) (ws : list CondWaiter) : list CondWaiter :=
  List.filter (fun w => negb (waits_for pid w)) ws.

Definition cond_wait_abort (t : PSharedTable) (cond_id pid : Z) : PSharedTable :=
  match conds t !! cond_id with
  | Some ws => set_conds t (<[cond_id := drop_waiter pid ws]> (conds t))
  | None => t
  end.

Definition mark (w : CondWaiter) : CondWaiter := mkCondWaiter (cw_pid w) (cw_mutex w) true.

(** The loop of [cond_signal]: mark the first waiter that is not signaled. *)
Fixpoint signal_first (ws : list CondWaiter) : list CondWaiter * Z :=
  match ws with
  | [] => ([], 0)
  | w :: ws' =>
      if signaled w then let '(ws'', pid) := signal_first ws' in (w :: ws'', pid)
      else (mark w :: ws', cw_pid w)
  end.

Definition cond_signal (t : PSharedTable) (cond_id : Z) : PSharedTable * result Z :=
  let? ws := ok_or (conds t !! cond_id) EINVAL orelse t in
  let '(ws', pid) := signal_first ws in
  (set_conds t (<[cond_id := ws']> (conds t)), Ok pid).

Definition cond_broadcast (t : PSharedTable) (cond_id : Z) : PSharedTable * result Z :=
  let? ws := ok_or (conds t !! cond_id) EINVAL orelse t in
  (set_conds t (<[cond_id := map mark ws]> (conds t)),
   Ok (lenZ (List.filter (fun w => negb (signaled w)) ws))).

(** ** Barriers *)

Definition barrier_init (t : PSharedTable) (n : Z) : PSharedTable * result Z :=
  if n =? 0 then (t, Err EINVAL)
  else
    let '(t, id) := alloc_id t in
    (set_barriers t (<[id := mkBarrier n []]> (barriers t)), Ok id).

Definition barrier_destroy (t : PSharedTable) (id : Z) : PSharedTable * result unit :=
  let? b := ok_or (barriers t !! id) EINVAL orelse t in
  if negb (bool_decide (arrivals b = [])) then (t, Err EBUSY)
  else (set_barriers t (delete id (barriers t)), Ok tt).

Definition arrived (pid : Z) (w : BarrierWaiter) : bool := bw_pid w =? pid.
Definition release (w : BarrierWaiter) : BarrierWaiter := mkBarrierWaiter (bw_pid w) (is_serial w) true.

(** [barrier_wait] on the barrier; the last arrival is not kept, so its
    [is_serial] mark goes with it. *)
Definition barrier_arrive (b : PSharedBarrier) (pid : Z) : PSharedBarrier * result Z :=
  match position (arrived pid) (arrivals b) with
  | Some idx =>
      let? w := ok_or (arrivals b !! idx) EINVAL orelse b in
      if released w then
        (mkBarrier (count b) (remove_at idx (arrivals b)),
         Ok (if is_serial w then PTHREAD_BARRIER_SERIAL_THREAD else 0))
      else (b, Err EAGAIN)
  | None =>
      let ws := arrivals b ++ [mkBarrierWaiter pid false false] in
      if as_u32 (lenZ ws) =? count b then
        (mkBarrier (count b) (map release (arrivals b)), Ok PTHREAD_BARRIER_SERIAL_THREAD)
      else (mkBarrier (count b) ws, Err EAGAIN)
  end.

Definition barrier_wait (t : PSharedTable) (id pid : Z) : PSharedTable * result Z :=
  let? b := ok_or (barriers t !! id) EINVAL orelse t in
  let '(b', r) := barrier_arrive b pid in
  (set_barriers t (<[id := b']> (barriers t)), r).

(** ** Process removal *)

Definition release_owned (pid : Z) (m : PSharedMutex) : PSharedMutex :=
  if owner m =? pid then mkMutex 0 0 (mtype m) else m.
Definition drop_arrival (pid : Z) (b : PSharedBarrier) : PSharedBarrier :=
  mkBarrier (count b) (List.filter (fun w => negb (arrived pid w)) (arrivals b)).

Definition cleanup_process (t : PSharedTable) (pid : Z) : PSharedTable :=
  mkTable (release_owned pid <$> mutexes t) (drop_waiter pid <$> conds t)
    (drop_arrival pid <$> barriers t) (next_id t).

(** ** Calls *)

Inductive call : Type :=
  | CMutexInit (ty : Z) | CMutexDestroy (id : Z) | CTrylock (id pid : Z) | CLock (id pid : Z)
  | CUnlock (id pid : Z) | CCondInit | CCondDestroy (id : Z) | CWaitBegin (cond_id mutex_id pid : Z)
  | CWaitCheck (cond_id mutex_id pid : Z) | CWaitAbort (cond_id pid : Z) | CSignal (cond_id : Z)
  | CBroadcast (cond_id : Z) | CBarrierInit (n : Z) | CBarrierDestroy (id : Z)
  | CBarrierWait (id pid : Z) | CCleanup (pid : Z).

(** The value of a call that returns nothing is 0. *)
Definition unit_result (r : result unit) : result Z := match r with Ok _ => Ok 0 | Err e => Err e end.
Definition without {A} (out : A * result unit) : A * result Z := (fst out, unit_result (snd out)).

Definition run_call (t : PSharedTable) (c : call) : PSharedTable * result Z :=
  match c with
  | CMutexInit ty => let '(t, id) := mutex_init t ty in (t, Ok id)
  | CMutexDestroy id => without (mutex_destroy t id)
  | CTrylock id pid => without (mutex_trylock t id pid)
  | CLock id pid => without (mutex_lock t id pid)
  | CUnlock id pid => without (mutex_unlock t id pid)
  | CCondInit => let '(t, id) := cond_init t in (t, Ok id)
  | CCondDestroy id => without (cond_destroy t id)
  | CWaitBegin c m pid => without (cond_wait_begin t c m pid)
  | CWaitCheck c m pid => without (cond_wait_check t c m pid)
  | CWaitAbort c pid => (cond_wait_abort t c pid, Ok 0)
  | CSignal c => cond_signal t c
  | CBroadcast c => cond_broadcast t c
  | CBarrierInit n => barrier_init t n
  | CBarrierDestroy id => without (barrier_destroy t id)
  | CBarrierWait id pid => barrier_wait t id pid
  | CCleanup pid => (cleanup_process t pid, Ok 0)
  end.

Definition run_calls (t : PSharedTable) (cs : list call) : PSharedTable :=
  fold_left (fun t c => fst (run_call t c)) cs t.

(** ** Invariant *)

Record mutex_ok (m : PSharedMutex) : Prop := {
  mo_count : 0 <= recursive_count m <= u32_max;
  mo_free : owner m = 0 -> recursive_count m = 0;
  mo_plain : mtype m <> MUTEX_TYPE_RECURSIVE -> recursive_count m = 0;
}.

Record barrier_ok (b : PSharedBarrier) : Prop := {
  bo_room : lenZ (arrivals b) < count b <= u32_max;
  bo_pids : List.NoDup (map bw_pid (arrivals b));
  bo_serial w : In w (arrivals b) -> is_serial w = false;
}.

Definition cond_ok (ws : list CondWaiter) : Prop := List.NoDup (map cw_pid ws).

(** The identifiers in use are below the counter, as long as it has not
    wrapped. *)
Definition below {A} (t : PSharedTable) (m : gmap Z A) : Prop :=
  forall id x, m !! id = Some x -> 0 < id < next_id t.

Record wf (t : PSharedTable) : Prop := {
  wf_mutex id m : mutexes t !! id = Some m -> mutex_ok m;
  wf_cond id ws : conds t !! id = Some ws -> cond_ok ws;
  wf_barrier id b : barriers t !! id = Some b -> barrier_ok b;
  wf_ids : below t (mutexes t) /\ below t (conds t) /\ below t (barriers t);
  wf_next : 0 < next_id t <= u32_max;
}.

(** Process ids are positive, a barrier count is a [u32]. *)
Definition call_ok (c : call) : Prop :=
  match c with
  | CTrylock _ pid | CLock _ pid | CUnlock _ pid | CWaitBegin _ _ pid | CWaitCheck _ _ pid
  | CWaitAbort _ pid | CBarrierWait _ pid | CCleanup pid => 0 < pid
  | CBarrierInit n => 0 <= n <= u32_max
  | _ => True
  end.

Lemma wf_new_table : wf new.
Proof. split; simpl; try (by intros ? ? ?); [|unfold u32_max; lia]. by split_and!; intros ? ? ?. Qed.

(** Allocation leaves the tables alone and moves the counter by one. *)
Lemma alloc_id_spec t : wf t -> next_id t < u32_max ->
  alloc_id t = (mkTable (mutexes t) (conds t) (barriers t) (next_id t + 1), next_id t).
Proof.
  intros Hwf Hn. pose proof (wf_next t Hwf). unfold alloc_id, wrapping_add.
  rewrite Z.mod_small by (unfold u32_max in *; lia). by rewrite (proj2 (Z.eqb_neq _ _)) by lia.
Qed.

Lemma below_mono {A} t t' (m : gmap Z A) : below t m -> next_id t <= next_id t' -> below t' m.
Proof. intros H Hn id x Hx. specialize (H id x Hx). lia. Qed.

Lemma below_insert {A} t (m : gmap Z A) id x : below t m -> 0 < id < next_id t -> below t (<[id := x]> m).
Proof. intros H Hid k y [[<- <-]|[_ Hy]]%lookup_insert_Some; eauto. Qed.

Lemma below_update {A} t (m : gmap Z A) id x y : below t m -> m !! id = Some x -> below t (<[id := y]> m).
Proof. intros H Hid. apply below_insert; eauto. Qed.

Lemma below_delete {A} t (m : gmap Z A) id : below t m -> below t (delete id m).
Proof. intros H k y [_ Hy]%lookup_delete_Some. eauto. Qed.

Lemma below_fmap {A} t (f : A -> A) (m : gmap Z A) : below t m -> below t (f <$> m).
Proof. intros H k y. rewrite lookup_fmap. destruct (m !! k) eqn:E; [|done]. intros _. eauto. Qed.

#[export] Hint Resolve below_insert below_update below_delete below_fmap : kandelo.

(** Replacing one table keeps the invariant when its entries are fine. *)
Lemma set_mutexes_wf t ms : wf t -> (forall id m, ms !! id = Some m -> mutex_ok m) -> below t ms ->
  wf (set_mutexes t ms).
Proof. intros [H1 H2 H3 (H4 & H5 & H6) H7] Hm Hb. split; simpl; try done. Qed.
Lemma set_conds_wf t cs : wf t -> (forall id ws, cs !! id = Some ws -> cond_ok ws) -> below t cs ->
  wf (set_conds t cs).
Proof. intros [H1 H2 H3 (H4 & H5 & H6) H7] Hm Hb. split; simpl; try done. Qed.
Lemma set_barriers_wf t bs : wf t -> (forall id b, bs !! id = Some b -> barrier_ok b) -> below t bs ->
  wf (set_barriers t bs).
Proof. intros [H1 H2 H3 (H4 & H5 & H6) H7] Hm Hb. split; simpl; try done. Qed.

(** Every entry of a table after one entry changed. *)
Lemma insert_all {A} (P : A -> Prop) (m : gmap Z A) id x :
  (forall k y, m !! k = Some y -> P y) -> P x -> forall k y, <[id := x]> m !! k = Some y -> P y.
Proof. intros H Hx k y [[<- <-]|[_ Hy]]%lookup_insert_Some; eauto. Qed.
Lemma delete_all {A} (P : A -> Prop) (m : gmap Z A) id :
  (forall k y, m !! k = Some y -> P y) -> forall k y, delete id m !! k = Some y -> P y.
Proof. intros H k y [_ Hy]%lookup_delete_Some; eauto. Qed.
Lemma fmap_all {A} (P : A -> Prop) (f : A -> A) (m : gmap Z A) :
  (forall k y, m !! k = Some y -> P y) -> (forall y, P y -> P (f y)) -> forall k y, (f <$> m) !! k = Some y -> P y.
Proof. intros H Hf k y. rewrite lookup_fmap. destruct (m !! k) eqn:E; [|done]. intros [= <-]. eauto. Qed.

Lemma bump_wf t : wf t -> next_id t < u32_max ->
  wf (mkTable (mutexes t) (conds t) (barriers t) (next_id t + 1)).
Proof.
  intros [H1 H2 H3 (H4 & H5 & H6) H7] Hn. split; simpl; try done; [|lia].
  split_and!; eapply below_mono; try done; simpl; lia.
Qed.

Lemma update_mutex_wf t id m m' : wf t -> mutexes t !! id = Some m -> mutex_ok m' -> wf (set_mutex t id m').
Proof.
  intros Hwf Hm Hok. apply set_mutexes_wf; [done| |].
  - apply insert_all; [apply (wf_mutex t Hwf)|done].
  - destruct (wf_ids t Hwf) as (H & _). eauto with kandelo.
Qed.

Lemma update_cond_wf t id ws ws' : wf t -> conds t !! id = Some ws -> cond_ok ws' ->
  wf (set_conds t (<[id := ws']> (conds t))).
Proof.
  intros Hwf Hm Hok. apply set_conds_wf; [done| |].
  - apply insert_all; [apply (wf_cond t Hwf)|done].
  - destruct (wf_ids t Hwf) as (_ & H & _). eauto with kandelo.
Qed.

(** Filtering and marking keep the pids distinct. *)
Lemma NoDup_map_filter {A} (f : A -> Z) p l : List.NoDup (map f l) -> List.NoDup (map f (List.filter p l)).
Proof.
  induction l as [|x l IH]; simpl; [done|]. intros H. inversion H as [|? ? Hn Hd]; subst.
  destruct (p x); simpl; [|auto]. constructor; [|auto]. intros Hin. apply Hn.
  apply in_map_iff in Hin as (y & E & Hy). apply List.filter_In in Hy as [Hy _]. apply in_map_iff. eauto.
Qed.

Lemma NoDup_map_remove {A} (f : A -> Z) i l : List.NoDup (map f l) -> List.NoDup (map f (remove_at i l)).
Proof.
  unfold remove_at. rewrite map_app, <- firstn_map, <- skipn_map. revert i.
  induction (map f l) as [|x xs IH]; intros [|i] H; simpl; try done; inversion H as [|? ? Hn Hd]; subst; [done|].
  constructor; [|by apply IH]. rewrite in_app_iff. intros [Hi|Hi]; apply Hn.
  - rewrite <- (take_drop i xs). apply in_app_iff. auto.
  - rewrite <- (take_drop (S i) xs). apply in_app_iff. auto.
Qed.

Lemma NoDup_map_snoc {A} (f : A -> Z) l x : List.NoDup (map f l) -> (forall y, In y l -> f y <> f x) ->
  List.NoDup (map f (l ++ [x])).
Proof.
  intros H Hn. rewrite map_app. simpl. apply NoDup_ListNoDup, NoDup_app. rewrite <- NoDup_ListNoDup in H.
  split_and!; [done| |apply NoDup_singleton]. intros y Hy ->%list_elem_of_singleton.
  apply list_elem_of_In, in_map_iff in Hy as (z & E & Hz). by apply (Hn z Hz).
Qed.

Lemma signal_first_pids ws : map cw_pid (fst (signal_first ws)) = map cw_pid ws.
Proof.
  induction ws as [|w ws IH]; simpl; [done|]. destruct (signaled w); simpl; [|done].
  destruct (signal_first ws) as [ws' pid]. simpl in *. by rewrite IH.
Qed.

(** ** The invariant is kept *)

Lemma mutex_calls_wf t id pid : wf t -> 0 < pid ->
  wf (fst (mutex_destroy t id)) /\ wf (fst (mutex_trylock t id pid)) /\ wf (fst (mutex_unlock t id pid)).
Proof.
  intros Hwf Hp. unfold mutex_destroy, mutex_trylock, mutex_unlock.
  destruct (mutexes t !! id) as [m|] eqn:Hm; simpl; [|done].
  destruct (wf_mutex t Hwf id m Hm) as [M1 M2 M3]. split_and!.
  - destruct (negb _); simpl; [done|]. apply set_mutexes_wf; [done|apply delete_all, (wf_mutex t Hwf)|].
    apply below_delete, (wf_ids t Hwf).
  - destruct (Z.eqb_spec (owner m) 0); simpl.
    { eapply update_mutex_wf; [done|done|]. split; simpl; unfold u32_max; lia. }
    destruct (owner m =? pid); simpl; [|done]. destruct (Z.eqb_spec (mtype m) MUTEX_TYPE_RECURSIVE); simpl.
    { eapply update_mutex_wf; [done|done|]. split; simpl; [unfold saturating_add; lia|done|done]. }
    by destruct (mtype m =? MUTEX_TYPE_ERRORCHECK).
  - destruct (Z.eqb_spec (owner m) pid); simpl; [|done]. destruct (_ && _) eqn:E; to_prop; simpl.
    + eapply update_mutex_wf; [done|done|]. split; simpl; lia.
    + eapply update_mutex_wf; [done|done|]. split; simpl; unfold u32_max; lia.
Qed.

Lemma fst_mutex_lock t id pid : fst (mutex_lock t id pid) = fst (mutex_trylock t id pid).
Proof. unfold mutex_lock. destruct (mutex_trylock t id pid) as [t' [[]|[]]]; done. Qed.

Lemma wait_begin_wf t c m pid : wf t -> wf (fst (cond_wait_begin t c m pid)).
Proof.
  intros Hwf. unfold cond_wait_begin. destruct (mutexes t !! m) as [mu|] eqn:Hm; simpl; [|done].
  destruct (negb _); simpl; [done|].
  assert (wf (set_mutex t m (mkMutex 0 0 (mtype mu)))) as Hwf'.
  { eapply update_mutex_wf; [done|done|]. split; simpl; unfold u32_max; lia. }
  destruct (conds t !! c) as [ws|] eqn:Hc; simpl; [|done].
  apply (update_cond_wf (set_mutex t m (mkMutex 0 0 (mtype mu))) c ws); [done|done|].
  pose proof (wf_cond t Hwf c ws Hc) as Hok. destruct (existsb (waits_for pid) ws) eqn:E; [done|].
  apply NoDup_map_snoc; [done|]. simpl. intros y Hy Heq.
  assert (existsb (waits_for pid) ws = true) as E2; [|congruence].
  apply existsb_exists. exists y. split; [done|]. by apply Z.eqb_eq.
Qed.

Lemma wait_check_wf t c m pid : wf t -> wf (fst (cond_wait_check t c m pid)).
Proof.
  intros Hwf. unfold cond_wait_check. destruct (conds t !! c) as [ws|] eqn:Hc; simpl; [|done].
  destruct (position _ _) as [i|]; simpl; [|done]. destruct (ws !! i) as [w|]; simpl; [|done].
  destruct (negb _); simpl; [done|]. destruct (negb _); simpl; [done|].
  destruct (mutexes t !! m) as [mu|] eqn:Hm; simpl; [|done]. destruct (_ && _); simpl; [done|].
  apply (update_cond_wf (set_mutex t m (mkMutex pid 0 (mtype mu))) c ws); [|done|].
  - eapply update_mutex_wf; [done|done|]. split; simpl; unfold u32_max; lia.
  - apply NoDup_map_remove, (wf_cond t Hwf c ws Hc).
Qed.

(** The four ways a barrier call can go. *)
Lemma barrier_arrive_cases b pid : barrier_ok b ->
  (exists i w, arrivals b !! i = Some w /\ bw_pid w = pid /\ position (arrived pid) (arrivals b) = Some i /\
     barrier_arrive b pid = if released w then (mkBarrier (count b) (remove_at i (arrivals b)), Ok 0)
                            else (b, Err EAGAIN))
  \/ (forall w, In w (arrivals b) -> bw_pid w <> pid) /\
     barrier_arrive b pid =
       if lenZ (arrivals b) + 1 =? count b
       then (mkBarrier (count b) (map release (arrivals b)), Ok PTHREAD_BARRIER_SERIAL_THREAD)
       else (mkBarrier (count b) (arrivals b ++ [mkBarrierWaiter pid false false]), Err EAGAIN).
Proof.
  intros [B1 B2 B3]. unfold barrier_arrive. destruct (position _ _) as [i|] eqn:E.
  - left. destruct (position_Some _ _ _ E) as (w & Hw & Ha & _). exists i, w. rewrite Hw. cbn [ok_or].
    apply Z.eqb_eq in Ha. rewrite (B3 w) by (by apply list_elem_of_In; eapply list_elem_of_lookup_2). done.
  - right. pose proof (proj1 (position_None _ _) E) as E'. split.
    + intros w Hw He. specialize (E' w Hw). unfold arrived in E'. by apply Z.eqb_neq in E'.
    + rewrite length_app. simpl. unfold as_u32. rewrite Z.mod_small by (unfold u32_max in *; lia).
      replace (Z.of_nat (length (arrivals b) + 1)) with (lenZ (arrivals b) + 1) by lia. done.
Qed.

Lemma barrier_arrive_ok b pid : barrier_ok b -> barrier_ok (fst (barrier_arrive b pid)).
Proof.
  intros Hb. pose proof Hb as [B1 B2 B3].
  destruct (barrier_arrive_cases b pid Hb) as [(i & w & Hw & _ & _ & ->)|[Hn ->]].
  - destruct (released w); simpl; [|done]. split; simpl.
    + pose proof (lookup_lt_Some _ _ _ Hw). unfold remove_at. rewrite length_app, length_take, length_drop. lia.
    + by apply NoDup_map_remove.
    + intros x Hx. apply B3. by eapply in_remove_at.
  - destruct (Z.eqb_spec (lenZ (arrivals b) + 1) (count b)) as [He|He]; simpl; split; simpl.
    + rewrite length_map. lia.
    + by rewrite map_map.
    + intros x (y & <- & Hy)%in_map_iff. simpl. by apply B3.
    + rewrite length_app. simpl. lia.
    + by apply NoDup_map_snoc.
    + intros x [Hx|[<-|[]]]%in_app_iff; [by apply B3|done].
Qed.

Lemma cleanup_wf t pid : wf t -> wf (cleanup_process t pid).
Proof.
  intros [H1 H2 H3 (H4 & H5 & H6) H7]. split; simpl; [| | | |done].
  - apply fmap_all; [done|]. intros m [M1 M2 M3]. unfold release_owned.
    destruct (_ =? _); [|done]. split; simpl; unfold u32_max; lia.
  - apply fmap_all; [done|]. intros ws Hws. by apply NoDup_map_filter.
  - apply fmap_all; [done|]. intros b [B1 B2 B3]. split; simpl.
    + pose proof (filter_length_le (fun w => negb (arrived pid w)) (arrivals b)). lia.
    + by apply NoDup_map_filter.
    + intros w [Hw _]%List.filter_In. by apply B3.
  - split_and!; simpl; apply (below_fmap (mkTable _ _ _ _)); done.
Qed.

Lemma fst_without {A} (out : A * result unit) : fst (without out) = fst out.
Proof. done. Qed.

Lemma pshared_run_call_wf t c : wf t -> call_ok c -> next_id t < u32_max -> wf (fst (run_call t c)).
Proof.
  intros Hwf Hc Hn. pose proof (wf_next t Hwf) as Hnx. pose proof (bump_wf t Hwf Hn) as Hb.
  destruct (wf_ids t Hwf) as (B1 & B2 & B3).
  destruct c as [ty|id|id pid|id pid|id pid| |id|cd mu pid|cd mu pid|cd pid|cd|cd|n|id|id pid|pid];
    cbn [run_call]; rewrite ?fst_without, ?fst_mutex_lock; simpl in Hc.
  - unfold mutex_init. rewrite alloc_id_spec by done. simpl. apply (set_mutexes_wf (mkTable _ _ _ _)); [done| |]; simpl.
    + apply insert_all; [apply (wf_mutex t Hwf)|]. split; simpl; unfold u32_max; lia.
    + apply below_insert; [apply (below_mono t); [done|simpl; lia]|simpl; lia].
  - by apply (mutex_calls_wf t id 1).
  - by apply mutex_calls_wf.
  - by apply mutex_calls_wf.
  - by apply mutex_calls_wf.
  - unfold cond_init. rewrite alloc_id_spec by done. simpl. apply (set_conds_wf (mkTable _ _ _ _)); [done| |]; simpl.
    + apply insert_all; [apply (wf_cond t Hwf)|constructor].
    + apply below_insert; [apply (below_mono t); [done|simpl; lia]|simpl; lia].
  - unfold cond_destroy. destruct (conds t !! id); simpl; [|done]. destruct (negb _); simpl; [done|].
    apply set_conds_wf; [done|apply delete_all, (wf_cond t Hwf)|by apply below_delete].
  - by apply wait_begin_wf.
  - by apply wait_check_wf.
  - simpl. unfold cond_wait_abort. destruct (conds t !! cd) as [ws|] eqn:E; [|done].
    eapply update_cond_wf; [done|done|]. apply NoDup_map_filter, (wf_cond t Hwf cd ws E).
  - unfold cond_signal. destruct (conds t !! cd) as [ws|] eqn:E; simpl; [|done].
    destruct (signal_first ws) as [ws' pid] eqn:Es. simpl. eapply update_cond_wf; [done|done|].
    unfold cond_ok. replace ws' with (fst (signal_first ws)) by (by rewrite Es).
    rewrite signal_first_pids. apply (wf_cond t Hwf cd ws E).
  - unfold cond_broadcast. destruct (conds t !! cd) as [ws|] eqn:E; simpl; [|done].
    eapply update_cond_wf; [done|done|]. unfold cond_ok. rewrite map_map. apply (wf_cond t Hwf cd ws E).
  - unfold barrier_init. destruct (Z.eqb_spec n 0); [done|]. rewrite alloc_id_spec by done. simpl.
    apply (set_barriers_wf (mkTable _ _ _ _)); [done| |]; simpl.
    + apply insert_all; [apply (wf_barrier t Hwf)|]. split; simpl; [lia|constructor|done].
    + apply below_insert; [apply (below_mono t); [done|simpl; lia]|simpl; lia].
  - unfold barrier_destroy. destruct (barriers t !! id); simpl; [|done]. destruct (negb _); simpl; [done|].
    apply set_barriers_wf; [done|apply delete_all, (wf_barrier t Hwf)|by apply below_delete].
  - unfold barrier_wait. destruct (barriers t !! id) as [b|] eqn:E; simpl; [|done].
    pose proof (barrier_arrive_ok b pid (wf_barrier t Hwf id b E)) as Hok.
    destruct (barrier_arrive b pid) as [b' r]. simpl in *. apply set_barriers_wf; [done| |by eapply below_update].
    by apply insert_all; [apply (wf_barrier t Hwf)|].
  - simpl. by apply cleanup_wf.
Qed.

Lemma run_call_next t c : wf t -> next_id t < u32_max -> next_id (fst (run_call t c)) <= next_id t + 1.
Proof.
  intros Hwf Hn.
  destruct c; cbn [run_call]; rewrite ?fst_without, ?fst_mutex_lock;
    unfold mutex_init, cond_init, barrier_init, barrier_destroy, barrier_wait, cond_destroy, cond_signal,
      cond_broadcast, cond_wait_begin, cond_wait_check, cond_wait_abort, mutex_destroy, mutex_trylock, mutex_unlock;
    rewrite ?alloc_id_spec by done; repeat (case_match; simplify_eq); simpl; lia.
Qed.

(** A run with room for its allocations keeps any property that every call
    keeps on well-formed tables. *)
Lemma run_calls_keep (P : PSharedTable -> Prop) (allowed : call -> Prop) cs t :
  (forall t c, wf t -> next_id t < u32_max -> call_ok c -> allowed c -> P t -> P (fst (run_call t c))) ->
  wf t -> P t -> (forall c, In c cs -> call_ok c /\ allowed c) ->
  next_id t + lenZ cs <= u32_max -> wf (run_calls t cs) /\ P (run_calls t cs).
Proof.
  intros Hstep. revert t. induction cs as [|c cs IH]; intros t Hwf HP Hc Hn; [done|]. simpl in Hn |- *.
  destruct (Hc c (or_introl eq_refl)) as [Hok Hal].
  pose proof (run_call_next t c Hwf ltac:(lia)).
  apply IH; [apply pshared_run_call_wf; auto with lia| |intros; apply Hc; by right|lia].
  apply Hstep; auto with lia.
Qed.

Definition holds (t : PSharedTable) (id pid : Z) : Prop :=
  exists m, mutexes t !! id = Some m /\ owner m = pid.

(** The calls with which a process gives up a mutex it holds. *)
Definition gives_up (id pid : Z) (c : call) : Prop :=
  match c with
  | CUnlock id' p | CWaitBegin _ id' p => id' = id /\ p = pid
  | CCleanup p => p = pid
  | _ => False
  end.

Lemma holds_insert t id pid ms k m : holds t id pid -> ms = <[k := m]> (mutexes t) -> (k = id -> owner m = pid) ->
  exists m', ms !! id = Some m' /\ owner m' = pid.
Proof.
  intros (m0 & Hm & Ho) -> Hk. destruct (decide (k = id)) as [->|].
  - exists m. rewrite lookup_insert_eq. auto.
  - exists m0. by rewrite lookup_insert_ne.
Qed.

Lemma run_call_holds id pid t c : 0 < pid -> wf t -> next_id t < u32_max -> call_ok c ->
  ~ gives_up id pid c -> holds t id pid -> holds (fst (run_call t c)) id pid.
Proof.
  intros Hp Hwf Hn Hc Hg Hh. pose proof Hh as (m0 & Hm0 & Ho0).
  destruct c as [ty|k|k q|k q|k q| |k|cd mu q|cd mu q|cd q|cd|cd|n|k|k q|q];
    cbn [run_call]; rewrite ?fst_without, ?fst_mutex_lock; simpl in Hc, Hg.
  - unfold mutex_init. rewrite alloc_id_spec by done. simpl. eapply (holds_insert t); [done|done|].
    intros E. destruct (wf_ids t Hwf) as (B & _). pose proof (B _ _ Hm0). lia.
  - unfold mutex_destroy. destruct (mutexes t !! k) as [m|] eqn:E; simpl; [|done].
    destruct (Z.eqb_spec (owner m) 0); simpl; [|done]. exists m0. simpl. rewrite lookup_delete_ne; [done|]. intros ->. simplify_eq. lia.
  - unfold mutex_trylock. destruct (mutexes t !! k) as [m|] eqn:E; simpl; [|done].
    repeat case_match; simpl; try done; to_prop; (eapply holds_insert; [done|done|]; intros ->; simplify_eq; simpl; lia).
  - unfold mutex_trylock. destruct (mutexes t !! k) as [m|] eqn:E; simpl; [|done].
    repeat case_match; simpl; try done; to_prop; (eapply holds_insert; [done|done|]; intros ->; simplify_eq; simpl; lia).
  - unfold mutex_unlock. destruct (mutexes t !! k) as [m|] eqn:E; simpl; [|done].
    destruct (Z.eqb_spec (owner m) q); simpl; [|done].
    assert (k <> id) by (intros ->; apply Hg; split; congruence).
    case_match; simpl; (eapply holds_insert; [done|done|]; congruence).
  - done.
  - unfold cond_destroy. repeat case_match; done.
  - unfold cond_wait_begin. destruct (mutexes t !! mu) as [m|] eqn:E; simpl; [|done].
    destruct (Z.eqb_spec (owner m) q); simpl; [|done].
    assert (mu <> id) by (intros ->; apply Hg; split; congruence).
    case_match; simpl; (eapply holds_insert; [done|done|]; congruence).
  - unfold cond_wait_check. destruct (conds t !! cd) as [ws|]; simpl; [|done].
    destruct (position _ _) as [i|]; simpl; [|done]. destruct (ws !! i); simpl; [|done].
    destruct (negb _); simpl; [done|]. destruct (negb _); simpl; [done|].
    destruct (mutexes t !! mu) as [m|] eqn:E; simpl; [|done]. destruct (_ && _) eqn:E2; simpl; [done|].
    eapply holds_insert; [done|done|]. intros ->. assert (m = m0) as -> by congruence. simpl.
    to_prop. lia.
  - simpl. unfold cond_wait_abort. by case_match.
  - unfold cond_signal. repeat case_match; done.
  - unfold cond_broadcast. repeat case_match; done.
  - unfold barrier_init. repeat case_match; try done. unfold alloc_id in *. by simplify_eq.
  - unfold barrier_destroy. repeat case_match; done.
  - unfold barrier_wait. repeat case_match; done.
  - simpl. exists m0. simpl. rewrite lookup_fmap, Hm0. simpl. unfold release_owned.
    rewrite (proj2 (Z.eqb_neq _ _)) by congruence. done.
Qed.

(** A process with a pending wakeup on a condition variable. *)
Definition woken (t : PSharedTable) (cd mu pid : Z) : Prop :=
  exists ws, conds t !! cd = Some ws /\ In (mkCondWaiter pid mu true) ws.

(** The calls with which a process takes or abandons its wakeup. *)
Definition consumes (cd pid : Z) (c : call) : Prop :=
  match c with
  | CWaitCheck cd' _ p | CWaitAbort cd' p => cd' = cd /\ p = pid
  | CCleanup p => p = pid
  | _ => False
  end.

Lemma woken_insert t cd mu pid cs k ws : woken t cd mu pid -> cs = <[k := ws]> (conds t) ->
  (forall ws0, k = cd -> conds t !! cd = Some ws0 -> In (mkCondWaiter pid mu true) ws0 ->
     In (mkCondWaiter pid mu true) ws) ->
  exists ws', cs !! cd = Some ws' /\ In (mkCondWaiter pid mu true) ws'.
Proof.
  intros (ws0 & Hc & Hin) -> Hk. destruct (decide (k = cd)) as [->|].
  - exists ws. rewrite lookup_insert_eq. eauto.
  - exists ws0. by rewrite lookup_insert_ne.
Qed.

Lemma in_signal_first w ws : signaled w = true -> In w ws -> In w (fst (signal_first ws)).
Proof.
  intros Hs. induction ws as [|x ws IH]; simpl; [done|]. destruct (signaled x) eqn:E.
  - destruct (signal_first ws). simpl in *. intros [->|H]; auto.
  - simpl. intros [->|H]; [congruence|auto].
Qed.

Lemma in_drop_waiter w pid ws : cw_pid w <> pid -> In w ws -> In w (drop_waiter pid ws).
Proof.
  intros Hn Hin. apply List.filter_In. split; [done|]. unfold waits_for.
  by rewrite (proj2 (Z.eqb_neq _ _)).
Qed.

Lemma in_remove_other {A} i (l : list A) x y : l !! i = Some x -> y <> x -> In y l -> In y (remove_at i l).
Proof.
  intros Hi Hne Hin. destruct (remove_at_split i l x Hi) as [E _]. rewrite E in Hin.
  apply in_app_iff in Hin as [H|[H|H]]; [|congruence|]; apply in_app_iff; auto.
Qed.

Lemma run_call_woken cd mu pid t c : wf t -> next_id t < u32_max ->
  ~ consumes cd pid c -> woken t cd mu pid -> woken (fst (run_call t c)) cd mu pid.
Proof.
  intros Hwf Hn Hg Hw. pose proof Hw as (ws0 & Hc0 & Hin0).
  destruct c as [ty|k|k q|k q|k q| |k|k m q|k m q|k q|k|k|n|k|k q|q];
    cbn [run_call]; rewrite ?fst_without, ?fst_mutex_lock; simpl in Hg.
  - done.
  - unfold mutex_destroy. repeat case_match; done.
  - unfold mutex_trylock. repeat case_match; done.
  - unfold mutex_trylock. repeat case_match; done.
  - unfold mutex_unlock. repeat case_match; done.
  - unfold cond_init. rewrite alloc_id_spec by done. simpl. eapply (woken_insert t); [done|done|].
    intros ws E Hws. destruct (wf_ids t Hwf) as (_ & B & _). pose proof (B _ _ Hws). lia.
  - unfold cond_destroy. destruct (conds t !! k) as [ws|] eqn:E; simpl; [|done].
    case_bool_decide as Hnil; simpl; [|done]. exists ws0. simpl. rewrite lookup_delete_ne; [done|].
    intros ->. simplify_eq. done.
  - unfold cond_wait_begin. destruct (mutexes t !! m) as [mm|]; simpl; [|done].
    destruct (negb _); simpl; [done|]. destruct (conds t !! k) as [ws|] eqn:E; simpl; [|done].
    eapply (woken_insert t); [done|done|]. intros ws' -> E' Hi. simplify_eq.
    destruct (existsb _ _); [done|]. apply in_app_iff. auto.
  - unfold cond_wait_check. destruct (conds t !! k) as [ws|] eqn:E; simpl; [|done].
    destruct (position _ _) as [i|] eqn:Ep; simpl; [|done].
    destruct (position_Some _ _ _ Ep) as (w & Hwi & Hwp & _). rewrite Hwi. simpl.
    destruct (negb _); simpl; [done|]. destruct (negb _); simpl; [done|].
    destruct (mutexes t !! m); simpl; [|done]. destruct (_ && _); simpl; [done|].
    eapply (woken_insert t); [done|done|]. intros ws' -> E' Hi. simplify_eq.
    eapply in_remove_other; [done| |done]. intros <-. apply Hg. apply Z.eqb_eq in Hwp. done.
  - simpl. unfold cond_wait_abort. destruct (conds t !! k) as [ws|] eqn:E; [|done].
    eapply (woken_insert t); [done|done|]. intros ws' -> E' Hi. simplify_eq.
    apply in_drop_waiter; [|done]. simpl. intros ->. by apply Hg.
  - unfold cond_signal. destruct (conds t !! k) as [ws|] eqn:E; simpl; [|done].
    destruct (signal_first ws) as [ws' p] eqn:Es. simpl. eapply (woken_insert t); [done|done|].
    intros ws1 -> E' Hi. assert (ws1 = ws) as -> by congruence.
    replace ws' with (fst (signal_first ws)) by (by rewrite Es). by apply in_signal_first.
  - unfold cond_broadcast. destruct (conds t !! k) as [ws|] eqn:E; simpl; [|done].
    eapply (woken_insert t); [done|done|]. intros ws1 -> E' Hi. simplify_eq.
    apply in_map_iff. by exists (mkCondWaiter pid mu true).
  - unfold barrier_init. repeat case_match; try done. unfold alloc_id in *. by simplify_eq.
  - unfold barrier_destroy. repeat case_match; done.
  - unfold barrier_wait. repeat case_match; done.
  - simpl. eexists. simpl. rewrite lookup_fmap, Hc0. simpl. split; [done|].
    apply in_drop_waiter; [|done]. simpl. congruence.
Qed.

(** ** Properties *)

(** Invariant. In every table reachable with fewer than 2^32
    allocations, identifiers are below the counter, a mutex is nested only if
    it is held and recursive, no process waits twice on one condition variable
    or barrier, and a barrier always lacks at least one arrival. *)
Theorem pshared_invariant cs : (forall c, In c cs -> call_ok c) -> lenZ cs < u32_max -> wf (run_calls new cs).
Proof.
  intros Hc Hn. apply (run_calls_keep (fun _ => True) (fun _ => True)); auto using wf_new_table.
  simpl. lia.
Qed.

Definition witness_calls : list call :=
  [CMutexInit 1; CCondInit; CLock 1 10; CLock 1 10; CUnlock 1 10; CWaitBegin 2 1 10; CLock 1 11; CSignal 2].

Lemma pshared_witness_calls_ok : forall c, In c witness_calls -> call_ok c.
Proof. intros c H. simpl in H. intuition (subst; simpl; done). Qed.

Lemma pshared_invariant_witness : wf (run_calls new witness_calls).
Proof. apply (pshared_invariant witness_calls pshared_witness_calls_ok). reflexivity. Defined.

(** Mutual exclusion. Once a process holds a mutex it keeps holding it
    through any calls other than its own unlock, its own condition wait on
    that mutex and its own removal; all that time every other process that
    locks is told to wait (EAGAIN, EBUSY from trylock), cannot unlock it
    (EPERM) and cannot destroy it (EBUSY), and none of these calls changes
    anything. *)
Theorem mutex_held_until_owner_releases t id pid cs : wf t -> 0 < pid -> holds t id pid ->
  (forall c, In c cs -> call_ok c /\ ~ gives_up id pid c) -> next_id t + lenZ cs <= u32_max ->
  let t' := run_calls t cs in
  holds t' id pid /\ mutex_destroy t' id = (t', Err EBUSY)
  /\ forall q, q <> pid -> mutex_lock t' id q = (t', Err EAGAIN)
       /\ mutex_trylock t' id q = (t', Err EBUSY) /\ mutex_unlock t' id q = (t', Err EPERM).
Proof.
  intros Hwf Hp Hh Hc Hn t'.
  destruct (run_calls_keep (fun t => holds t id pid) (fun c => ~ gives_up id pid c) cs t) as [_ Hh'];
    [|done|done|done|done|].
  { intros. by apply run_call_holds. }
  fold t' in Hh'. split; [done|]. destruct Hh' as (m & Hm & Ho).
  unfold mutex_destroy, mutex_lock, mutex_trylock, mutex_unlock. rewrite Hm. simpl.
  rewrite (proj2 (Z.eqb_neq (owner m) 0)) by lia. split; [done|]. intros q Hq.
  by rewrite (proj2 (Z.eqb_neq (owner m) q)) by congruence.
Qed.

Lemma mutex_held_until_owner_releases_witness :
  let t := run_calls (run_calls new [CMutexInit 1; CLock 1 10; CLock 1 10]) [CUnlock 1 11; CCleanup 12; CTrylock 1 12] in
  mutex_lock t 1 12 = (t, Err EAGAIN).
Proof.
  assert (forall c, In c [CMutexInit 1; CLock 1 10; CLock 1 10] -> call_ok c) as Hok.
  { intros c H. simpl in H. intuition (subst; simpl; done). }
  eapply (mutex_held_until_owner_releases (run_calls new [CMutexInit 1; CLock 1 10; CLock 1 10]) 1 10
    [CUnlock 1 11; CCleanup 12; CTrylock 1 12]).
  - apply (run_calls_keep (fun _ => True) (fun _ => True)); auto using wf_new_table. vm_compute. discriminate.
  - lia.
  - exists (mkMutex 10 1 1). split; vm_compute; reflexivity.
  - intros c [<-|[<-|[<-|[]]]]; simpl; split; lia.
  - vm_compute. discriminate.
  - lia.
Defined.

(** Nested locking. On a well-formed table a successful lock of an
    existing mutex is undone by one unlock of the same process, to the exact
    state before, as long as the nesting count has not saturated. *)
Theorem lock_unlock_roundtrip t id pid m : wf t -> 0 < pid -> mutexes t !! id = Some m ->
  recursive_count m < u32_max -> snd (mutex_lock t id pid) = Ok tt ->
  let out := mutex_unlock (fst (mutex_lock t id pid)) id pid in
  snd out = Ok tt /\ mutexes (fst out) = mutexes t.
Proof.
  intros Hwf Hp Hm Hr Hok. destruct (wf_mutex t Hwf id m Hm) as [M1 M2 M3]. rewrite fst_mutex_lock.
  revert Hok. unfold mutex_lock, mutex_trylock, mutex_unlock. rewrite Hm. simpl.
  destruct (Z.eqb_spec (owner m) 0) as [H0|H0]; simpl.
  - intros _. rewrite lookup_insert_eq. simpl. rewrite Z.eqb_refl. simpl.
    assert ((mtype m =? MUTEX_TYPE_RECURSIVE) && (0 <? 0) = false) as -> by apply andb_false_r. simpl.
    split; [done|]. rewrite insert_insert_eq. apply insert_id. rewrite Hm. f_equal.
    pose proof (M2 H0). destruct m; simpl in *; congruence.
  - destruct (Z.eqb_spec (owner m) pid) as [Hpid|]; [|done].
    destruct (Z.eqb_spec (mtype m) MUTEX_TYPE_RECURSIVE) as [Ht|]; [|by destruct (_ =? _)].
    intros _. simpl. rewrite lookup_insert_eq. simpl. rewrite Hpid, Z.eqb_refl, Ht, Z.eqb_refl. simpl.
    unfold saturating_add. rewrite Z.min_r by lia. rewrite (proj2 (Z.ltb_lt _ _)) by lia. simpl.
    split; [done|]. rewrite insert_insert_eq. apply insert_id. rewrite Hm. f_equal.
    destruct m; simpl in *; f_equal; [congruence|lia|congruence].
Qed.

Lemma lock_unlock_roundtrip_witness :
  let t := run_calls new [CMutexInit 1; CLock 1 10] in
  let out := mutex_unlock (fst (mutex_lock t 1 10)) 1 10 in
  snd out = Ok tt /\ mutexes (fst out) = mutexes t.
Proof.
  apply (lock_unlock_roundtrip (run_calls new [CMutexInit 1; CLock 1 10]) 1 10 (mkMutex 10 0 1)).
  - apply (run_calls_keep (fun _ => True) (fun _ => True)); auto using wf_new_table.
    + intros c [<-|[<-|[]]]; simpl; split; done.
    + vm_compute. discriminate.
  - lia.
  - vm_compute. reflexivity.
  - simpl. reflexivity.
  - vm_compute. reflexivity.
Defined.

(** A signal wakes the oldest waiter that no signal has woken yet and
    only that one, and returns its pid; a broadcast wakes all of them and
    returns how many it woke. *)
Theorem cond_signal_wakes_oldest t cd l1 w l2 : conds t !! cd = Some (l1 ++ w :: l2) ->
  (forall x, In x l1 -> signaled x = true) -> signaled w = false ->
  cond_signal t cd = (set_conds t (<[cd := l1 ++ mark w :: l2]> (conds t)), Ok (cw_pid w))
  /\ exists n, cond_broadcast t cd = (set_conds t (<[cd := map mark (l1 ++ w :: l2)]> (conds t)), Ok n)
     /\ n = 1 + lenZ (List.filter (fun x => negb (signaled x)) l2).
Proof.
  intros Hc Hl1 Hw. unfold cond_signal, cond_broadcast. rewrite Hc. simpl. split.
  - assert (signal_first (l1 ++ w :: l2) = (l1 ++ mark w :: l2, cw_pid w)) as ->; [|done].
    clear Hc. induction l1 as [|x l1 IH]; simpl; [by rewrite Hw|].
    rewrite (Hl1 x) by (by left). rewrite IH by auto with kandelo. done.
  - eexists. split; [done|]. rewrite List.filter_app. simpl. rewrite Hw. simpl.
    assert (List.filter (fun x => negb (signaled x)) l1 = []) as ->; [|simpl; lia].
    clear Hc. induction l1 as [|x l1 IH]; simpl; [done|]. rewrite (Hl1 x) by (by left). simpl.
    apply IH. auto with kandelo.
Qed.

Lemma cond_signal_wakes_oldest_witness :
  let t := mkTable ∅ {[2 := [mkCondWaiter 10 1 true; mkCondWaiter 11 1 false; mkCondWaiter 12 1 false]]} ∅ 3 in
  cond_signal t 2 = (set_conds t (<[2 := [mkCondWaiter 10 1 true; mkCondWaiter 11 1 true; mkCondWaiter 12 1 false]]>
    (conds t)), Ok 11).
Proof.
  apply (cond_signal_wakes_oldest (mkTable ∅ {[2 := [mkCondWaiter 10 1 true; mkCondWaiter 11 1 false;
    mkCondWaiter 12 1 false]]} ∅ 3) 2 [mkCondWaiter 10 1 true] (mkCondWaiter 11 1 false) [mkCondWaiter 12 1 false]).
  - vm_compute. reflexivity.
  - intros x [<-|[]]. reflexivity.
  - reflexivity.
Defined.

(** No lost wakeup. A process that was woken stays woken through any
    calls of other processes; as soon as the mutex it waits for is free, its
    next check returns with the mutex held and its queue entry gone. *)
Theorem cond_wakeup_not_lost t cd mu pid cs : wf t -> woken t cd mu pid ->
  (forall c, In c cs -> call_ok c /\ ~ consumes cd pid c) -> next_id t + lenZ cs <= u32_max ->
  let t' := run_calls t cs in
  (forall m, mutexes t' !! mu = Some m -> owner m = 0 ->
     let out := cond_wait_check t' cd mu pid in
     snd out = Ok tt /\ holds (fst out) mu pid
     /\ exists ws, conds (fst out) !! cd = Some ws /\ forall w, In w ws -> cw_pid w <> pid)
  /\ forall q, owner q <> 0 -> owner q <> pid -> mutexes t' !! mu = Some q ->
     cond_wait_check t' cd mu pid = (t', Err EAGAIN).
Proof.
  intros Hwf Hw Hc Hn t'.
  destruct (run_calls_keep (fun t => woken t cd mu pid) (fun c => ~ consumes cd pid c) cs t)
    as [Hwf' (ws & Hcd & Hin)]; [by intros; apply run_call_woken|done|done|done|done|]. fold t' in Hwf', Hcd.
  pose proof (wf_cond t' Hwf' cd ws Hcd) as Hnd.
  destruct (position (waits_for pid) ws) as [i|] eqn:Ep.
  2:{ pose proof (proj1 (position_None _ _) Ep _ Hin) as E. unfold waits_for in E. simpl in E.
      by rewrite Z.eqb_refl in E. }
  destruct (position_Some _ _ _ Ep) as (w & Hwi & Hwp & _).
  assert (forall x, In x ws -> cw_pid x = pid -> x = w) as Huniq.
  { intros x Hx Ex. apply Z.eqb_eq in Hwp.
    apply list_elem_of_In, list_elem_of_lookup in Hx as [j Hj].
    assert (j = i) as ->; [|congruence]. eapply (proj1 (NoDup_alt (map cw_pid ws))).
    - by apply NoDup_ListNoDup.
    - rewrite list_lookup_fmap, Hj. simpl. by rewrite Ex.
    - rewrite list_lookup_fmap, Hwi. simpl. by rewrite Hwp. }
  assert (w = mkCondWaiter pid mu true) as -> by (symmetry; by apply Huniq).
  unfold cond_wait_check. rewrite Hcd. simpl. rewrite Ep. simpl. rewrite Hwi. simpl. rewrite Z.eqb_refl. simpl.
  split; intros m Hm1 Hm2.
  - rewrite Hm1. simpl. rewrite Hm2. simpl. split; [done|]. split.
    + eexists. simpl. rewrite lookup_insert_eq. done.
    + eexists. simpl. rewrite lookup_insert_eq. split; [done|]. intros x Hx Ex.
      pose proof (in_remove_at _ _ _ Hx) as Hx'. pose proof (Huniq x Hx' Ex) as ->. unfold cond_ok in Hnd.
      destruct (remove_at_split i ws _ Hwi) as [E _]. rewrite E, map_app in Hnd. simpl in Hnd.
      apply NoDup_remove_2 in Hnd. apply Hnd. rewrite <- map_app. by apply (in_map cw_pid _ (mkCondWaiter pid mu true)).
  - intros ->. simpl. rewrite (proj2 (Z.eqb_neq _ _) Hm1), (proj2 (Z.eqb_neq _ _) Hm2). done.
Qed.

Lemma cond_wakeup_not_lost_witness :
  let t := run_calls (run_calls new witness_calls) [CUnlock 1 11] in
  snd (cond_wait_check t 2 1 10) = Ok tt.
Proof.
  eapply (cond_wakeup_not_lost (run_calls new witness_calls) 2 1 10 [CUnlock 1 11]) with (m := mkMutex 0 0 1).
  - apply (run_calls_keep (fun _ => True) (fun _ => True)); auto using wf_new_table.
    + intros c H. split; [by apply pshared_witness_calls_ok|done].
    + vm_compute. discriminate.
  - exists [mkCondWaiter 10 1 true]. split; [vm_compute; reflexivity|by left].
  - intros c [<-|[]]. simpl. split; [lia|tauto].
  - vm_compute. discriminate.
  - vm_compute. reflexivity.
  - reflexivity.
Defined.

(** A sequence of [barrier_wait] calls on one barrier, with their results. *)
Fixpoint barrier_run (b : PSharedBarrier) (pids : list Z) : PSharedBarrier * list (result Z) :=
  match pids with
  | [] => (b, [])
  | pid :: pids' =>
      let '(b', r) := barrier_arrive b pid in
      let '(b'', rs) := barrier_run b' pids' in (b'', r :: rs)
  end.

(** The processes of a sequence of calls, in the order of their first call. *)
Definition distinct (pids : list Z) : list Z :=
  fold_left (fun acc pid => if bool_decide (pid ∈ acc) then acc else acc ++ [pid]) pids [].

Definition waiting (rel : bool) (pid : Z) : BarrierWaiter := mkBarrierWaiter pid false rel.

Lemma barrier_run_app b p1 p2 b1 r1 : barrier_run b p1 = (b1, r1) ->
  barrier_run b (p1 ++ p2) = (fst (barrier_run b1 p2), r1 ++ snd (barrier_run b1 p2)).
Proof.
  revert b r1. induction p1 as [|p p1 IH]; intros b r1; simpl.
  - intros [= -> <-]. simpl. by destruct (barrier_run b1 p2).
  - destruct (barrier_arrive b p) as [b' r]. destruct (barrier_run b' p1) as [b2 rs] eqn:E.
    intros [= -> <-]. rewrite (IH b' rs E). done.
Qed.

Lemma position_arrived rel pid ps : position (arrived pid) (map (waiting rel) ps) = position (Z.eqb pid) ps.
Proof.
  induction ps as [|p ps IH]; simpl; [done|]. unfold arrived at 1. simpl. rewrite Z.eqb_sym. by rewrite IH.
Qed.

Lemma distinct_snoc pids pid :
  distinct (pids ++ [pid]) = if bool_decide (pid ∈ distinct pids) then distinct pids else distinct pids ++ [pid].
Proof. unfold distinct. by rewrite fold_left_app. Qed.

Lemma distinct_NoDup pids : NoDup (distinct pids).
Proof.
  induction pids as [|p pids IH] using rev_ind; [constructor|]. rewrite distinct_snoc.
  case_bool_decide as Hin; [done|]. apply NoDup_app. split_and!; [done| |apply NoDup_singleton].
  intros x Hx ->%list_elem_of_singleton. done.
Qed.

Lemma position_eqb_in pid ps : (exists i, position (Z.eqb pid) ps = Some i) <-> pid ∈ ps.
Proof.
  split.
  - intros [i Hi]. destruct (position_Some _ _ _ Hi) as (x & Hx & E & _). apply Z.eqb_eq in E. subst x.
    by eapply list_elem_of_lookup_2.
  - intros Hin. destruct (position (Z.eqb pid) ps) as [i|] eqn:E; [eauto|].
    apply list_elem_of_In in Hin. pose proof (proj1 (position_None _ _) E pid Hin) as E'. by rewrite Z.eqb_refl in E'.
Qed.

(** Calls of fewer processes than the barrier waits for all block. *)
Lemma barrier_gather n pids : lenZ (distinct pids) < n -> n <= u32_max ->
  barrier_run (mkBarrier n []) pids
  = (mkBarrier n (map (waiting false) (distinct pids)), replicate (length pids) (Err EAGAIN)).
Proof.
  induction pids as [|p pids IH] using rev_ind; intros Hl Hn; [done|]. rewrite distinct_snoc in Hl |- *.
  assert (lenZ (distinct pids) < n) as Hl' by (case_bool_decide; [done|rewrite length_app in Hl; simpl in Hl; lia]).
  rewrite (barrier_run_app _ _ _ _ _ (IH Hl' Hn)). simpl.
  unfold barrier_arrive. simpl. rewrite position_arrived. rewrite (length_app pids [p]).
  rewrite (replicate_add (length pids) (length [p])). case_bool_decide as Hin.
  - apply position_eqb_in in Hin as [i Hi]. rewrite Hi. destruct (position_Some _ _ _ Hi) as (x & Hx & _).
    rewrite list_lookup_fmap, Hx. done.
  - destruct (position (Z.eqb p) (distinct pids)) as [i|] eqn:E.
    { exfalso. apply Hin, position_eqb_in. eauto. }
    rewrite length_app, length_map in *. simpl in *. unfold as_u32. rewrite Z.mod_small by (unfold u32_max in *; lia).
    rewrite (proj2 (Z.eqb_neq _ _)) by lia. by rewrite map_app.
Qed.

(** Released processes leave one by one with 0. *)
Lemma barrier_drain n ps drain : NoDup ps -> Permutation drain ps ->
  barrier_run (mkBarrier n (map (waiting true) ps)) drain = (mkBarrier n [], replicate (length drain) (Ok 0)).
Proof.
  revert ps. induction drain as [|p drain IH]; intros ps Hnd Hp.
  { apply Permutation_nil in Hp. by subst. }
  assert (p ∈ ps) as Hin by (rewrite <- Hp; set_solver). simpl. unfold barrier_arrive. simpl.
  rewrite position_arrived. pose proof Hin as Hin'. apply position_eqb_in in Hin' as [i Hi]. rewrite Hi.
  destruct (position_Some _ _ _ Hi) as (x & Hx & Ex & _). apply Z.eqb_eq in Ex. subst x.
  rewrite list_lookup_fmap, Hx. simpl.
  destruct (remove_at_split i ps p Hx) as [Es _].
  assert (remove_at i (map (waiting true) ps) = map (waiting true) (remove_at i ps)) as ->.
  { unfold remove_at. by rewrite map_app, <- firstn_map, <- skipn_map. }
  rewrite Es in Hnd, Hp. apply NoDup_app in Hnd as (N1 & N2 & N3). apply NoDup_cons in N3 as [N3 N4].
  rewrite IH.
  - done.
  - unfold remove_at. apply NoDup_app. split_and!; [done| |done]. intros y Hy Hy2. apply (N2 y Hy). set_solver.
  - unfold remove_at. apply Permutation_cons_app_inv in Hp. done.
Qed.

(** A barrier round. Start from a barrier nobody waits at. However
    often the first [n - 1] processes retry, they all block; the arrival of the
    last process releases the round and it alone gets the serial result; then
    the others, in any order, each leave with 0, and the barrier is empty
    again. *)
Theorem barrier_round n calls last drain :
  lenZ (distinct calls) + 1 = n -> n <= u32_max -> last ∉ distinct calls -> Permutation drain (distinct calls) ->
  barrier_run (mkBarrier n []) (calls ++ last :: drain)
  = (mkBarrier n [], replicate (length calls) (Err EAGAIN) ++
       Ok PTHREAD_BARRIER_SERIAL_THREAD :: replicate (length drain) (Ok 0)).
Proof.
  intros Hl Hn Hlast Hp. rewrite (barrier_run_app _ _ _ _ _ (barrier_gather n calls ltac:(lia) Hn)).
  simpl. unfold barrier_arrive. simpl. rewrite position_arrived.
  destruct (position (Z.eqb last) (distinct calls)) as [i|] eqn:E.
  { exfalso. apply Hlast, position_eqb_in. eauto. }
  rewrite length_app, length_map. simpl. unfold as_u32. rewrite Z.mod_small by (unfold u32_max in *; lia).
  rewrite (proj2 (Z.eqb_eq _ _)) by lia.
  assert (map release (map (waiting false) (distinct calls)) = map (waiting true) (distinct calls)) as ->
    by (by rewrite map_map).
  rewrite barrier_drain; [done|apply distinct_NoDup|done].
Qed.

Lemma barrier_round_witness :
  barrier_run (mkBarrier 3 []) [7; 8; 7; 8; 9; 8; 7]
  = (mkBarrier 3 [], [Err EAGAIN; Err EAGAIN; Err EAGAIN; Err EAGAIN; Ok (-1); Ok 0; Ok 0]).
Proof.
  apply (barrier_round 3 [7; 8; 7; 8] 9 [8; 7]).
  - reflexivity.
  - unfold u32_max. lia.
  - apply (bool_decide_unpack _). vm_compute. reflexivity.
  - change (distinct [7; 8; 7; 8]) with [7; 8]. apply perm_swap.
Defined.

(** A process that comes back for the next round before the others of
    the last one have left is counted together with them: on a barrier for two
    it passes the second round alone. *)
Theorem barrier_reentry_passes_alone :
  snd (barrier_run (mkBarrier 2 []) [1; 2; 2]) = [Err EAGAIN; Ok (-1); Ok (-1)].
Proof. vm_compute. reflexivity. Qed.

(** A wait on a condition variable that does not exist fails with EINVAL
    but has already released the mutex of the caller. *)
Theorem failed_wait_releases_mutex t cd mu m : mutexes t !! mu = Some m -> conds t !! cd = None ->
  snd (cond_wait_begin t cd mu (owner m)) = Err EINVAL
  /\ holds (fst (cond_wait_begin t cd mu (owner m))) mu 0.
Proof.
  intros Hm Hc. unfold cond_wait_begin. rewrite Hm. simpl. rewrite Z.eqb_refl. simpl. rewrite Hc. simpl.
  split; [done|]. eexists. simpl. rewrite lookup_insert_eq. done.
Qed.

Lemma failed_wait_releases_mutex_witness :
  snd (cond_wait_begin (run_calls new [CMutexInit 0; CLock 1 10]) 5 1 10) = Err EINVAL.
Proof.
  apply (failed_wait_releases_mutex (run_calls new [CMutexInit 0; CLock 1 10]) 5 1 (mkMutex 10 0 0));
    vm_compute; reflexivity.
Defined.

(** Process removal. Afterwards the process holds no mutex and waits
    nowhere; mutexes of other processes and their queue entries, in order, are
    untouched. *)
Theorem cleanup_leaves_no_trace t pid : wf t -> 0 < pid ->
  let t' := cleanup_process t pid in
  (forall id, ~ holds t' id pid)
  /\ (forall id q, q <> pid -> q <> 0 -> holds t' id q <-> holds t id q)
  /\ (forall id ws, conds t !! id = Some ws ->
        conds t' !! id = Some (List.filter (fun w => negb (cw_pid w =? pid)) ws))
  /\ (forall id b, barriers t !! id = Some b ->
        barriers t' !! id = Some (mkBarrier (count b) (List.filter (fun w => negb (bw_pid w =? pid)) (arrivals b)))).
Proof.
  intros Hwf Hp t'. unfold t', holds. simpl. split_and!.
  - intros id (m & Hm & Ho). rewrite lookup_fmap in Hm. destruct (mutexes t !! id) as [m0|]; [|done].
    injection Hm as <-. unfold release_owned in Ho. destruct (Z.eqb_spec (owner m0) pid); simpl in *; lia.
  - intros id q Hq H0. rewrite lookup_fmap. destruct (mutexes t !! id) as [m0|] eqn:E; simpl.
    2:{ split; by intros (m & ? & ?). }
    unfold release_owned. destruct (Z.eqb_spec (owner m0) pid) as [Ho|Ho].
    + split; intros (m & [= <-] & ?); simpl in *; congruence.
    + done.
  - intros id ws H. by rewrite lookup_fmap, H.
  - intros id b H. by rewrite lookup_fmap, H.
Qed.

Lemma cleanup_leaves_no_trace_witness :
  ~ holds (cleanup_process (run_calls new witness_calls) 11) 1 11.
Proof.
  apply (cleanup_leaves_no_trace (run_calls new witness_calls) 11); [|lia].
  apply (run_calls_keep (fun _ => True) (fun _ => True)); auto using wf_new_table.
  - intros c H. split; [by apply pshared_witness_calls_ok|done].
  - vm_compute. discriminate.
Defined.
