(* ===== verification/Terminal.v ===== *)
(** * Terminals (crates/runtime-core/src/terminal.rs)

    The termios attributes with their 60-byte wire layout and the canonical
    line discipline: input translation, signal characters, line editing, the
    queue of completed input and the one-shot end-of-input. Bytes are [Z] in
    [0, 256), the flag words [Z] in [0, 2^32). *)

From S2P Require Import Prelude.

Definition ECHO : Z := 8.
Definition ECHOE : Z := 16.
Definition ECHOK : Z := 32.
Definition ECHONL : Z := 64.
Definition ICANON : Z := 2.
Definition ISIG : Z := 1.
Definition IEXTEN : Z := 32768.
Definition NOFLSH : Z := 128.
Definition ECHOCTL : Z := 512.
Definition ICRNL : Z := 256.
Definition INLCR : Z := 64.
Definition IGNCR : Z := 128.
Definition IXON : Z := 1024.
Definition IXANY : Z := 2048.
Definition IMAXBEL : Z := 8192.
Definition OPOST : Z := 1.
Definition ONLCR : Z := 4.
Definition CS8 : Z := 48.
Definition CREAD : Z := 128.
Definition HUPCL : Z := 1024.
Definition B38400 : Z := 15.

Definition VINTR : nat := 0.
Definition VQUIT : nat := 1.
Definition VERASE : nat := 2.
Definition VKILL : nat := 3.
Definition VEOF : nat := 4.
Definition VTIME : nat := 5.
Definition VMIN : nat := 6.
Definition VSTART : nat := 8.
Definition VSTOP : nat := 9.
Definition VSUSP : nat := 10.
Definition VEOL : nat := 11.
Definition NCCS : nat := 32.
Definition TERMIOS_SIZE : nat := 60.

Definition SIGINT : Z := 2.
Definition SIGQUIT : Z := 3.
Definition SIGTSTP : Z := 20.

Definition NL : Z := 10.
Definition CR : Z := 13.
Definition TAB : Z := 9.
Definition CARET : Z := 94.

Record WinSize : Type := mkWinSize { ws_row : Z; ws_col : Z; ws_xpixel : Z; ws_ypixel : Z }.

Record TerminalState : Type := mkTerminal {
  c_iflag : Z; c_oflag : Z; c_cflag : Z; c_lflag : Z; c_line : Z;
  c_cc : list Z;
  c_ispeed : Z; c_ospeed : Z;
  winsize : WinSize;
  foreground_pgid : Z; session_id : Z;
  line_buffer : list Z;
  cooked_buffer : list Z;
  eof_pending : bool;
}.

(** The queues of a terminal replaced, its attributes kept. *)
Definition with_input (t : TerminalState) (line cooked : list Z) (eof : bool) : TerminalState :=
  mkTerminal (c_iflag t) (c_oflag t) (c_cflag t) (c_lflag t) (c_line t) (c_cc t) (c_ispeed t) (c_ospeed t)
    (winsize t) (foreground_pgid t) (session_id t) line cooked eof.

Definition or_all (flags : list Z) : Z := fold_left Z.lor flags 0.

Definition default_cc : list Z :=
  <[VINTR := 3]> (<[VQUIT := 28]> (<[VERASE := 127]> (<[VKILL := 21]> (<[VEOF := 4]>
  (<[VSTART := 17]> (<[VSTOP := 19]> (<[VSUSP := 26]> (<[VMIN := 1]> (<[VTIME := 0]>
    (replicate NCCS 0)))))))))).

Definition new : TerminalState :=
  mkTerminal (or_all [ICRNL; IXON; IXANY; IMAXBEL]) (or_all [OPOST; ONLCR])
    (or_all [CS8; CREAD; HUPCL; B38400]) (or_all [ECHO; ECHOE; ECHOK; ECHOCTL; ICANON; ISIG; IEXTEN])
    0 default_cc B38400 B38400 (mkWinSize 24 80 0 0) 0 0 [] [] false.

(** ** The wire layout *)

(** [u32::to_le_bytes] and [u32::from_le_bytes]. *)
Definition to_le_bytes (n : Z) : list Z :=
  [n mod 256; n / 256 mod 256; n / 65536 mod 256; n / 16777216 mod 256].
Definition from_le_bytes (b0 b1 b2 b3 : Z) : Z := b0 + 256 * b1 + 65536 * b2 + 16777216 * b3.

(** [write_termios]: the buffer afterwards; a shorter buffer panics. *)
Definition write_termios (t : TerminalState) (buf : list Z) : option (list Z) :=
  if bool_decide (TERMIOS_SIZE <= length buf)%nat then
    Some (to_le_bytes (c_iflag t) ++ to_le_bytes (c_oflag t) ++ to_le_bytes (c_cflag t)
          ++ to_le_bytes (c_lflag t) ++ [c_line t] ++ c_cc t ++ [0; 0; 0]
          ++ to_le_bytes (c_ispeed t) ++ to_le_bytes (c_ospeed t) ++ drop TERMIOS_SIZE buf)
  else None.

(** The little-endian word at an offset. *)
Definition word_at (buf : list Z) (i : nat) : option Z :=
  b0 ← buf !! i; b1 ← buf !! S i; b2 ← buf !! S (S i); b3 ← buf !! S (S (S i));
  Some (from_le_bytes b0 b1 b2 b3).

(** [read_termios]; an index past the buffer panics. *)
Definition read_termios (t : TerminalState) (buf : list Z) : option TerminalState :=
  iflag ← word_at buf 0; oflag ← word_at buf 4; cflag ← word_at buf 8; lflag ← word_at buf 12;
  line ← buf !! 16%nat; ispeed ← word_at buf 52; ospeed ← word_at buf 56;
  Some (mkTerminal iflag oflag cflag lflag line (take NCCS (drop 17 buf)) ispeed ospeed
          (winsize t) (foreground_pgid t) (session_id t) (line_buffer t) (cooked_buffer t) (eof_pending t)).

(** ** The line discipline *)

Definition is_canonical (t : TerminalState) : bool := has_flag (c_lflag t) ICANON.

Definition control_char_matches (t : TerminalState) (index : nat) (byte : Z) : bool :=
  negb (nth index (c_cc t) 0 =? 0) && (nth index (c_cc t) 0 =? byte).

Definition echoctl_renders_as_caret (byte : Z) : bool :=
  ((byte <? 32) || (byte =? 127)) && negb (byte =? TAB).

Definition translate_input_byte (t : TerminalState) (byte : Z) : option Z :=
  if (byte =? CR) && has_flag (c_iflag t) IGNCR then None
  else if (byte =? CR) && has_flag (c_iflag t) ICRNL then Some NL
  else if (byte =? NL) && has_flag (c_iflag t) INLCR then Some CR
  else Some byte.

(** The signal a byte generates under ISIG. *)
Definition signal_of (t : TerminalState) (byte : Z) : option Z :=
  if has_flag (c_lflag t) ISIG then
    if control_char_matches t VINTR byte then Some SIGINT
    else if control_char_matches t VQUIT byte then Some SIGQUIT
    else if control_char_matches t VSUSP byte then Some SIGTSTP
    else None
  else None.

Definition erase_echo : list Z := [8; 32; 8].

(** The canonical part of [process_translated_input_byte]. *)
Definition edit_line (t : TerminalState) (byte : Z) : TerminalState * list Z :=
  let do_echo := has_flag (c_lflag t) ECHO in
  if control_char_matches t VERASE byte then
    if bool_decide (line_buffer t = []) then (t, [])
    else (with_input t (removelast (line_buffer t)) (cooked_buffer t) (eof_pending t),
          if do_echo && has_flag (c_lflag t) ECHOE then erase_echo else [])
  else if control_char_matches t VKILL byte then
    (with_input t [] (cooked_buffer t) (eof_pending t),
     if do_echo && has_flag (c_lflag t) ECHOK
     then concat (replicate (length (line_buffer t)) erase_echo) else [])
  else if control_char_matches t VEOF byte then
    if bool_decide (line_buffer t = []) then (with_input t [] (cooked_buffer t) true, [])
    else (with_input t [] (cooked_buffer t ++ line_buffer t) (eof_pending t), [])
  else if (byte =? NL) || control_char_matches t VEOL byte then
    (with_input t [] (cooked_buffer t ++ line_buffer t ++ [byte]) false,
     if do_echo || has_flag (c_lflag t) ECHONL && (byte =? NL) then [byte] else [])
  else
    (with_input t (line_buffer t ++ [byte]) (cooked_buffer t) false,
     if do_echo then
       if has_flag (c_lflag t) ECHOCTL && echoctl_renders_as_caret byte
       then [CARET; Z.lxor byte 64] else [byte]
     else []).

Definition process_translated_input_byte (t : TerminalState) (byte : Z)
    : TerminalState * (list Z * option Z) :=
  let do_echo := has_flag (c_lflag t) ECHO in
  match signal_of t byte with
  | Some signum =>
      let echo := if do_echo then [CARET; Z.lxor byte 64; NL] else [] in
      (if has_flag (c_lflag t) NOFLSH then t else with_input t [] [] false, (echo, Some signum))
  | None =>
      if is_canonical t then let '(t', echo) := edit_line t byte in (t', (echo, None))
      else (t, ([], None))
  end.

Definition process_input_byte (t : TerminalState) (byte : Z) : TerminalState * (list Z * option Z) :=
  match translate_input_byte t byte with
  | Some byte => process_translated_input_byte t byte
  | None => (t, ([], None))
  end.

(** [read_cooked] with a buffer of [len] bytes: the bytes copied to it. *)
Definition read_cooked (t : TerminalState) (len : nat) : TerminalState * list Z :=
  let n := Nat.min len (length (cooked_buffer t)) in
  (with_input t (line_buffer t) (drop n (cooked_buffer t)) (eof_pending t), take n (cooked_buffer t)).

Definition has_cooked_data (t : TerminalState) : bool := negb (bool_decide (cooked_buffer t = [])).

Definition take_eof (t : TerminalState) : TerminalState * bool :=
  (with_input t (line_buffer t) (cooked_buffer t) false, eof_pending t).

Definition take_pending_canonical_input (t : TerminalState) : TerminalState * list Z :=
  (with_input t [] [] (eof_pending t), cooked_buffer t ++ line_buffer t).

Definition flush_input (t : TerminalState) : TerminalState := with_input t [] [] (eof_pending t).

Definition prepare_termios_change (t : TerminalState) (next_lflag : Z) (discard_input : bool) : TerminalState :=
  if discard_input then flush_input t
  else if is_canonical t && negb (has_flag next_lflag ICANON) then
    let '(t', pending) := take_pending_canonical_input t in
    with_input t' (line_buffer t') pending (eof_pending t')
  else t.

Definition vmin (t : TerminalState) : Z := nth VMIN (c_cc t) 0.
Definition vtime (t : TerminalState) : Z := nth VTIME (c_cc t) 0.

(** ** Round trip of the wire layout *)

Definition is_byte (b : Z) : Prop := 0 <= b < 256.
Definition is_word (n : Z) : Prop := 0 <= n < 4294967296.

Record attrs_ok (t : TerminalState) : Prop := {
  ao_flags : is_word (c_iflag t) /\ is_word (c_oflag t) /\ is_word (c_cflag t) /\ is_word (c_lflag t);
  ao_speeds : is_word (c_ispeed t) /\ is_word (c_ospeed t);
  ao_cc : length (c_cc t) = NCCS;
}.

(** The attributes and the input queues of a terminal. *)
Definition attributes (t : TerminalState) :=
  (c_iflag t, c_oflag t, c_cflag t, c_lflag t, c_line t, c_cc t, c_ispeed t, c_ospeed t).
Definition queues (t : TerminalState) := (line_buffer t, cooked_buffer t, eof_pending t).

Lemma le_bytes_roundtrip n : is_word n ->
  from_le_bytes (n mod 256) (n / 256 mod 256) (n / 65536 mod 256) (n / 16777216 mod 256) = n.
Proof. unfold is_word, from_le_bytes. intros H. Z.div_mod_to_equations. lia. Qed.

(** The word at the start of a suffix. *)
Lemma word_at_app pre n post i : is_word n -> length pre = i ->
  word_at (pre ++ to_le_bytes n ++ post) i = Some n.
Proof.
  intros Hn <-. unfold word_at.
  assert (forall j, (pre ++ to_le_bytes n ++ post) !! (length pre + j)%nat = (to_le_bytes n ++ post) !! j) as E.
  { intros j. rewrite lookup_app_r by lia. f_equal. lia. }
  rewrite <- (Nat.add_0_r (length pre)) at 1. rewrite E.
  replace (S (length pre)) with (length pre + 1)%nat by lia. rewrite E.
  replace (S (length pre + 1)) with (length pre + 2)%nat by lia. rewrite E.
  replace (S (length pre + 2)) with (length pre + 3)%nat by lia. rewrite E.
  simpl. by rewrite le_bytes_roundtrip.
Qed.

(** Round trip. Writing the attributes of a terminal into a buffer of at
    least 60 bytes and reading them back, into any terminal, restores all of
    them; the rest of the buffer, and the input queues of the terminal, are
    unchanged. Neither direction panics. *)
Theorem termios_roundtrip t u buf : attrs_ok t -> (TERMIOS_SIZE <= length buf)%nat ->
  exists out u', write_termios t buf = Some out /\ read_termios u out = Some u'
    /\ length out = length buf /\ drop TERMIOS_SIZE out = drop TERMIOS_SIZE buf
    /\ attributes u' = attributes t /\ queues u' = queues u.
Proof.
  intros [(F1 & F2 & F3 & F4) (S1 & S2) Hcc] Hb. unfold write_termios. rewrite bool_decide_eq_true_2 by done.
  set (head := to_le_bytes (c_iflag t) ++ to_le_bytes (c_oflag t) ++ to_le_bytes (c_cflag t)
          ++ to_le_bytes (c_lflag t) ++ [c_line t] ++ c_cc t ++ [0; 0; 0]).
  set (out := to_le_bytes (c_iflag t) ++ _).
  assert (length (head ++ to_le_bytes (c_ispeed t) ++ to_le_bytes (c_ospeed t)) = TERMIOS_SIZE) as Hh.
  { unfold head. rewrite !length_app. simpl. rewrite Hcc. done. }
  assert (out = (head ++ to_le_bytes (c_ispeed t) ++ to_le_bytes (c_ospeed t)) ++ drop TERMIOS_SIZE buf) as Ho.
  { unfold out, head. by rewrite <- !app_assoc. }
  exists out, (mkTerminal (c_iflag t) (c_oflag t) (c_cflag t) (c_lflag t) (c_line t) (c_cc t) (c_ispeed t)
    (c_ospeed t) (winsize u) (foreground_pgid u) (session_id u) (line_buffer u) (cooked_buffer u) (eof_pending u)).
  split_and!; try done.
  - unfold read_termios.
    assert (word_at out 0 = Some (c_iflag t)) as -> by (by apply (word_at_app [])).
    assert (word_at out 4 = Some (c_oflag t)) as -> by (by apply (word_at_app (to_le_bytes (c_iflag t)))).
    assert (word_at out 8 = Some (c_cflag t)) as ->
      by (by apply (word_at_app (to_le_bytes (c_iflag t) ++ to_le_bytes (c_oflag t)))).
    assert (word_at out 12 = Some (c_lflag t)) as ->
      by (by apply (word_at_app (to_le_bytes (c_iflag t) ++ to_le_bytes (c_oflag t) ++ to_le_bytes (c_cflag t)))).
    assert (length head = 52%nat) as Hh52 by (unfold head; rewrite !length_app; simpl; rewrite Hcc; done).
    assert (word_at out 52 = Some (c_ispeed t)) as ->.
    { rewrite Ho, <- !app_assoc. by apply word_at_app. }
    assert (word_at out 56 = Some (c_ospeed t)) as ->.
    { rewrite Ho, <- !app_assoc, app_assoc. apply word_at_app; [done|]. rewrite length_app, Hh52. done. }
    simpl. do 2 f_equal. rewrite <- Hcc. apply take_app_length.
  - rewrite Ho, length_app, Hh, length_drop. lia.
  - rewrite Ho, <- Hh. apply drop_app_length.
Qed.

Lemma new_attrs_ok : attrs_ok new.
Proof. split; vm_compute; intuition discriminate. Qed.

Lemma termios_roundtrip_witness :
  exists out u', write_termios new (replicate 64 7) = Some out /\ read_termios new out = Some u'
    /\ length out = length (replicate 64 7) /\ drop TERMIOS_SIZE out = drop TERMIOS_SIZE (replicate 64 7)
    /\ attributes u' = attributes new /\ queues u' = queues new.
Proof.
  apply (termios_roundtrip new new (replicate 64 7) new_attrs_ok). rewrite length_replicate. vm_compute. lia.
Defined.

(** ** Canonical editing *)

Definition feed (t : TerminalState) (bs : list Z) : TerminalState :=
  fold_left (fun t b => fst (process_input_byte t b)) bs t.

(** A byte that is text: it is not translated, generates no signal and has no
    editing function. *)
Definition ordinary (t : TerminalState) (b : Z) : Prop :=
  translate_input_byte t b = Some b /\ signal_of t b = None /\ b <> NL
  /\ forall i, In i [VERASE; VKILL; VEOF; VEOL] -> control_char_matches t i b = false.

(** A byte whose first editing function is the one at index [i]. *)
Definition edits (t : TerminalState) (i : nat) (b : Z) : Prop :=
  translate_input_byte t b = Some b /\ signal_of t b = None /\ control_char_matches t i b = true
  /\ forall j, (j < i)%nat -> In j [VERASE; VKILL; VEOF] -> control_char_matches t j b = false.

(** The discipline reads only the attributes, which input does not change. *)
Lemma edits_with_input t l c e i b : edits (with_input t l c e) i b <-> edits t i b.
Proof. done. Qed.
Lemma ordinary_with_input t l c e b : ordinary (with_input t l c e) b <-> ordinary t b.
Proof. done. Qed.

Lemma with_input_again t l c e l' c' e' : with_input (with_input t l c e) l' c' e' = with_input t l' c' e'.
Proof. done. Qed.

Lemma with_input_id t : with_input t (line_buffer t) (cooked_buffer t) (eof_pending t) = t.
Proof. by destruct t. Qed.

Lemma edit_step t b : is_canonical t = true -> translate_input_byte t b = Some b -> signal_of t b = None ->
  fst (process_input_byte t b) = fst (edit_line t b).
Proof.
  intros Hc Ht Hs. unfold process_input_byte. rewrite Ht. unfold process_translated_input_byte.
  rewrite Hs, Hc. by destruct (edit_line t b).
Qed.

Lemma ordinary_step t b : is_canonical t = true -> ordinary t b ->
  fst (process_input_byte t b) = with_input t (line_buffer t ++ [b]) (cooked_buffer t) false.
Proof.
  intros Hc (Ht & Hs & Hn & Hm). unfold process_input_byte, process_translated_input_byte.
  rewrite Ht, Hs, Hc. unfold edit_line. rewrite !Hm by (simpl; tauto). rewrite (proj2 (Z.eqb_neq _ _) Hn). done.
Qed.

Lemma feed_ordinary t bs : is_canonical t = true -> (forall b, In b bs -> ordinary t b) ->
  feed t bs = with_input t (line_buffer t ++ bs) (cooked_buffer t)
                (match bs with [] => eof_pending t | _ => false end).
Proof.
  intros Hc. revert t Hc. induction bs as [|b bs IH]; intros t Hc Ho; simpl.
  - by rewrite app_nil_r, with_input_id.
  - rewrite ordinary_step by auto with kandelo.
    rewrite IH by (try done; intros x Hx; apply (Ho x); by right).
    rewrite with_input_again. simpl. rewrite <- app_assoc. simpl. by destruct bs.
Qed.

Lemma feed_app t bs cs : feed t (bs ++ cs) = feed (feed t bs) cs.
Proof. apply fold_left_app. Qed.

Lemma erase_step t b : is_canonical t = true -> edits t VERASE b ->
  fst (process_input_byte t b) = with_input t (removelast (line_buffer t)) (cooked_buffer t) (eof_pending t).
Proof.
  intros Hc (Ht & Hs & Hm & _). unfold process_input_byte, process_translated_input_byte.
  rewrite Ht, Hs, Hc. unfold edit_line. rewrite Hm. case_bool_decide as Hl; [|done].
  by destruct t; simpl in *; subst.
Qed.

Lemma feed_erase t b n : is_canonical t = true -> edits t VERASE b ->
  feed t (replicate n b) = with_input t (take (length (line_buffer t) - n) (line_buffer t)) (cooked_buffer t) (eof_pending t).
Proof.
  intros Hc He. revert t Hc He. induction n as [|n IH]; intros t Hc He; simpl.
  - rewrite Nat.sub_0_r, take_ge, with_input_id by lia. done.
  - rewrite erase_step by done. rewrite IH by done. rewrite with_input_again. f_equal. simpl.
    rewrite removelast_firstn_len, length_take, take_take. f_equal. lia.
Qed.

(** Canonical editing. In canonical mode, whatever is already on the
    line: typing text and a newline delivers the line with its text and the
    newline, in order, and nothing else; typing text and erasing it again
    leaves line and delivered input as they were; the kill character discards
    the whole line and nothing that was delivered; an end-of-file character
    after text delivers the line without it and without arming end-of-file. *)
Theorem canonical_editing t bs : is_canonical t = true -> (forall b, In b bs -> ordinary t b) ->
  translate_input_byte t NL = Some NL -> signal_of t NL = None ->
  (forall i, In i [VERASE; VKILL; VEOF] -> control_char_matches t i NL = false) ->
  queues (feed t (bs ++ [NL])) = ([], cooked_buffer t ++ line_buffer t ++ bs ++ [NL], false)
  /\ (forall e, edits t VERASE e -> let u := feed t (bs ++ replicate (length bs) e) in
        line_buffer u = line_buffer t /\ cooked_buffer u = cooked_buffer t)
  /\ (forall k, edits t VKILL k -> let u := feed t (bs ++ [k]) in
        line_buffer u = [] /\ cooked_buffer u = cooked_buffer t)
  /\ (forall e, edits t VEOF e -> bs <> [] -> queues (feed t (bs ++ [e]))
        = ([], cooked_buffer t ++ line_buffer t ++ bs, false)).
Proof.
  intros Hc Ho Ht Hs Hm. split_and!.
  - rewrite feed_app, (feed_ordinary t bs) by done. cbn [feed fold_left]. rewrite edit_step by done.
    unfold edit_line. set (u := with_input t _ _ _).
    change (control_char_matches u) with (control_char_matches t). rewrite !Hm by (simpl; tauto).
    unfold queues. simpl. by rewrite <- !app_assoc.
  - intros e He. cbv zeta. rewrite feed_app, (feed_ordinary t bs), feed_erase by done. simpl.
    rewrite length_app, Nat.add_sub. by rewrite take_app_length.
  - intros k (K1 & K2 & K3 & K4). cbv zeta. rewrite feed_app, (feed_ordinary t bs) by done.
    cbn [feed fold_left]. rewrite edit_step by done. unfold edit_line. set (u := with_input t _ _ _).
    change (control_char_matches u) with (control_char_matches t).
    rewrite K3, (K4 VERASE) by (simpl; unfold VERASE, VKILL; auto with lia). done.
  - intros e (K1 & K2 & K3 & K4) Hne. rewrite feed_app, (feed_ordinary t bs) by done.
    cbn [feed fold_left]. rewrite edit_step by done. unfold edit_line. set (u := with_input t _ _ _).
    change (control_char_matches u) with (control_char_matches t).
    rewrite K3, (K4 VERASE), (K4 VKILL) by (simpl; unfold VERASE, VKILL, VEOF; auto with lia).
    rewrite bool_decide_eq_false_2.
    + unfold queues. simpl. by destruct bs.
    + simpl. by intros [_ E]%app_eq_nil.
Qed.

Lemma canonical_editing_witness :
  queues (feed new ([108; 115] ++ [NL])) = ([], [108; 115; NL], false)
  /\ line_buffer (feed new ([108; 115] ++ [127; 127])) = [].
Proof.
  assert (forall b, In b [108; 115] -> ordinary new b) as Ho.
  { intros b H. split_and!; destruct H as [<-|[<-|[]]]; try done;
      intros i Hi; simpl in Hi; intuition (subst; reflexivity). }
  destruct (canonical_editing new [108; 115]) as (H1 & H2 & _); [done|done|done|done| |].
  - intros i Hi. simpl in Hi. intuition (subst; reflexivity).
  - split; [apply H1|]. apply (H2 127). split_and!; [done|done|done|].
    intros j Hj Hi. simpl in Hi. unfold VERASE, VKILL, VEOF in *. intuition lia.
Defined.

(** End of input is delivered once. In canonical mode an end-of-file
    character on an empty line arms it and delivers no byte; the next take
    reports it and no later one does until it is armed again; text and
    newlines disarm it, so it never overtakes fresh input. *)
Theorem eof_is_one_shot t e : is_canonical t = true -> edits t VEOF e -> line_buffer t = [] ->
  let u := fst (process_input_byte t e) in
  queues u = ([], cooked_buffer t, true)
  /\ snd (take_eof u) = true /\ snd (take_eof (fst (take_eof u))) = false
  /\ forall b, ordinary u b -> eof_pending (fst (process_input_byte u b)) = false.
Proof.
  intros Hc (K1 & K2 & K3 & K4) Hl. simpl. rewrite edit_step by done.
  assert (fst (edit_line t e) = with_input t [] (cooked_buffer t) true) as ->.
  { unfold edit_line. rewrite K3, (K4 VERASE), (K4 VKILL) by (simpl; unfold VERASE, VKILL, VEOF; auto with lia).
    by rewrite bool_decide_eq_true_2. }
  split_and!; try done. intros b Hb. by rewrite ordinary_step.
Qed.

Lemma eof_is_one_shot_witness : snd (take_eof (fst (process_input_byte new 4))) = true.
Proof.
  apply (eof_is_one_shot new 4); [done| |done]. split_and!; [done|done|done|].
  intros j Hj Hi. simpl in Hi. unfold VERASE, VKILL, VEOF in *. intuition (subst; first [reflexivity | lia]).
Defined.

(** Flushing the input queue keeps a pending end-of-file: after the
    end-of-file character on an empty line and a flush, the next take still
    reports end of input. *)
Theorem flush_keeps_pending_eof :
  snd (take_eof (flush_input (fst (process_input_byte new 4)))) = true.
Proof. reflexivity. Qed.

(** Replacing the attributes takes the local flags from their offset and keeps
    the queues. *)
Lemma read_termios_lflag t buf lflag t' : word_at buf 12 = Some lflag -> read_termios t buf = Some t' ->
  c_lflag t' = lflag /\ queues t' = queues t.
Proof.
  intros Hw Hr. unfold read_termios in Hr. rewrite Hw in Hr. simpl in Hr.
  repeat match type of Hr with context [mbind _ ?o] => destruct o; simpl in Hr; [|done] end.
  by injection Hr as <-.
Qed.

(** ** The partial line *)

(** Operations on a terminal, with the attribute change as [tcsetattr]
    performs it. *)
Inductive term_step : TerminalState -> TerminalState -> Prop :=
  | ts_input t b : term_step t (fst (process_input_byte t b))
  | ts_read t n : term_step t (fst (read_cooked t n))
  | ts_take_eof t : term_step t (fst (take_eof t))
  | ts_flush t : term_step t (flush_input t)
  | ts_setattr t buf discard lflag t' : word_at buf 12 = Some lflag ->
      read_termios (prepare_termios_change t lflag discard) buf = Some t' -> term_step t t'.

(** In raw mode nothing is left on the line, and a line never holds a
    newline. *)
Record line_ok (t : TerminalState) : Prop := {
  lo_newline : ~ In NL (line_buffer t);
  lo_raw : is_canonical t = false -> line_buffer t = [];
}.

Lemma edit_line_ok t b : is_canonical t = true -> line_ok t -> line_ok (fst (edit_line t b)).
Proof.
  intros Hc [H1 H2].
  assert (forall l c e, ~ In NL l -> line_ok (with_input t l c e)) as Hmk.
  { intros l c e Hl. split; [done|]. intros E. unfold is_canonical in *. simpl in E. congruence. }
  unfold edit_line. destruct (control_char_matches t VERASE b).
  { case_bool_decide; [done|]. apply Hmk. rewrite removelast_firstn_len. intros Hin. apply H1.
    rewrite <- (take_drop (pred (length (line_buffer t))) (line_buffer t)). apply in_app_iff. by left. }
  destruct (control_char_matches t VKILL b); [apply Hmk; simpl; tauto|].
  destruct (control_char_matches t VEOF b); [case_bool_decide; apply Hmk; simpl; tauto|].
  destruct (_ || _) eqn:E; [apply Hmk; simpl; tauto|]. to_prop. apply Hmk. rewrite in_app_iff. simpl.
  intros [|[|[]]]; [done|congruence].
Qed.

Lemma term_step_line_ok t t' : term_step t t' -> line_ok t -> line_ok t'.
Proof.
  destruct 1 as [t b|t n|t|t|t buf discard lflag t' Hw Hr]; intros H; pose proof H as [H1 H2].
  - unfold process_input_byte. destruct (translate_input_byte t b) as [b'|]; [|done].
    unfold process_translated_input_byte. destruct (signal_of t b').
    + simpl. destruct (has_flag _ _); [done|]. split; simpl; tauto.
    + destruct (is_canonical t) eqn:Hc; [|done]. pose proof (edit_line_ok t b' Hc H).
      by destruct (edit_line t b').
  - done.
  - done.
  - split; simpl; tauto.
  - destruct (read_termios_lflag _ _ _ _ Hw Hr) as [Hl Hq]. unfold queues in Hq. injection Hq as Q1 _ _.
    split; [rewrite Q1|unfold is_canonical; rewrite Hl, Q1]; unfold prepare_termios_change.
    + destruct discard; simpl; [tauto|]. destruct (_ && _); simpl; tauto.
    + intros Hn. rewrite Hn. destruct discard; [done|]. simpl.
      destruct (is_canonical t) eqn:Hc; simpl; auto.
Qed.

(** The partial line. Through any input, reads, flushes and attribute
    changes, the line being edited never contains a newline (every newline
    completes its line), and in noncanonical mode nothing is held back on it. *)
Theorem partial_line_invariant t : rtc term_step new t ->
  ~ In NL (line_buffer t) /\ (is_canonical t = false -> line_buffer t = []).
Proof.
  intros H. assert (line_ok t) as [H1 H2]; [|done].
  assert (line_ok new) as H0 by (split; simpl; [tauto|done]).
  induction H as [t|t u v Hs _ IH]; [done|]. apply IH. by eapply term_step_line_ok.
Qed.

Lemma partial_line_invariant_witness :
  line_buffer (fst (process_input_byte (fst (process_input_byte new 97)) 98)) = [97; 98]
  /\ ~ In NL [97; 98].
Proof.
  split; [reflexivity|]. apply (partial_line_invariant (fst (process_input_byte (fst (process_input_byte new 97)) 98))).
  eapply rtc_l; [apply ts_input|]. eapply rtc_l; [apply ts_input|]. apply rtc_refl.
Defined.
