(* ===== verification/Pty.v ===== *)
(** * Pseudoterminals (crates/runtime-core/src/pty.rs)

    A pair of queues around the line discipline of Terminal.v. Each method
    returns the readiness events it raises beside its result:
    [Notify master] is [epoll::notify(Source::Pty(index, master), 0x41)],
    [Wake] is [wakeup::push_pty_readiness()]. *)

From S2P Require Import Prelude Terminal.

Definition MAX_PTYS : nat := 64.
Definition DEFAULT_SLAVE_MODE : Z := 400.

Inductive event : Type := Notify (master : bool) | Wake.

#[global] Instance event_eq_dec : EqDecision event.
Proof. solve_decision. Defined.

Record PtyPair : Type := mkPty {
  index : Z;
  owner_uid : Z; owner_gid : Z; mode : Z;
  terminal : TerminalState;
  input_buf : list Z;
  output_buf : list Z;
  locked : bool;
  master_refs : Z; slave_refs : Z;
}.

Definition new_pair (uid gid : Z) : PtyPair :=
  mkPty u32_max uid gid DEFAULT_SLAVE_MODE Terminal.new [] [] true 0 0.

Definition with_queues (p : PtyPair) (t : TerminalState) (input output : list Z) : PtyPair :=
  mkPty (index p) (owner_uid p) (owner_gid p) (mode p) t input output (locked p) (master_refs p) (slave_refs p).

Definition set_mode (p : PtyPair) (m : Z) : PtyPair :=
  mkPty (index p) (owner_uid p) (owner_gid p) (Z.land m 4095) (terminal p) (input_buf p) (output_buf p)
    (locked p) (master_refs p) (slave_refs p).

Definition set_owner (p : PtyPair) (uid gid : Z) : PtyPair :=
  mkPty (index p) uid gid (mode p) (terminal p) (input_buf p) (output_buf p) (locked p)
    (master_refs p) (slave_refs p).

Definition slave_has_data (p : PtyPair) : bool :=
  if is_canonical (terminal p) then has_cooked_data (terminal p) || eof_pending (terminal p)
  else negb (bool_decide (input_buf p = [])).
Definition master_has_data (p : PtyPair) : bool := negb (bool_decide (output_buf p = [])).
Definition is_alive (p : PtyPair) : bool := (0 <? master_refs p) || (0 <? slave_refs p).

(** Output processing of one byte under OPOST and ONLCR. *)
Definition onlcr_byte (t : TerminalState) (b : Z) : list Z :=
  if has_flag (c_oflag t) OPOST && has_flag (c_oflag t) ONLCR && (b =? NL) then [CR; NL] else [b].
Definition onlcr (t : TerminalState) (bs : list Z) : list Z := concat (map (onlcr_byte t) bs).

Definition process_master_input (p : PtyPair) (raw : Z) : PtyPair * (list event * option Z) :=
  match translate_input_byte (terminal p) raw with
  | None => (p, ([], None))
  | Some byte =>
      let old_input := (length (input_buf p) + length (cooked_buffer (terminal p)))%nat in
      let old_eof := eof_pending (terminal p) in
      let '(t, (echo, signal)) := process_translated_input_byte (terminal p) byte in
      let input := if bool_decide (signal <> None) && negb (has_flag (c_lflag t) NOFLSH)
                   then [] else input_buf p in
      let output := output_buf p ++ onlcr (terminal p) echo in
      match signal with
      | Some _ => (with_queues p t input output, ([Wake], signal))
      | None =>
          let p' := if is_canonical t then with_queues p t input output
                    else with_queues p t (input ++ [byte])
                           (output ++ (if has_flag (c_lflag t) ECHO then onlcr_byte (terminal p) byte else [])) in
          (p', ((if bool_decide (old_input < length (input_buf p') + length (cooked_buffer (terminal p')))%nat
                    || negb old_eof && eof_pending (terminal p') then [Notify false] else [])
                ++ (if bool_decide (length (output_buf p) < length (output_buf p'))%nat then [Notify true] else [])
                ++ (if negb (slave_has_data p) && slave_has_data p' || negb (master_has_data p) && master_has_data p'
                    then [Wake] else []), None))
      end
  end.

Definition flush_input (p : PtyPair) : PtyPair :=
  with_queues p (Terminal.flush_input (terminal p)) [] (output_buf p).

Definition prepare_termios_change (p : PtyPair) (next_lflag : Z) (discard_input : bool) : PtyPair * list event :=
  if discard_input then (flush_input p, [])
  else
    let was_canonical := is_canonical (terminal p) in
    let will_be_canonical := has_flag next_lflag ICANON in
    let p' :=
      if was_canonical && negb will_be_canonical then
        let '(t, pending) := take_pending_canonical_input (terminal p) in
        with_queues p t (input_buf p ++ pending) (output_buf p)
      else if negb was_canonical && will_be_canonical then
        with_queues p (with_input (terminal p) (line_buffer (terminal p))
                         (cooked_buffer (terminal p) ++ input_buf p) (eof_pending (terminal p))) [] (output_buf p)
      else p in
    (p', if Bool.eqb was_canonical will_be_canonical then [] else [Notify false; Wake]).

(** [slave_read] and [master_read] with a buffer of [len] bytes. *)
Definition slave_read (p : PtyPair) (len : nat) : PtyPair * list Z :=
  if is_canonical (terminal p) then
    let '(t, bs) := read_cooked (terminal p) len in (with_queues p t (input_buf p) (output_buf p), bs)
  else
    let n := Nat.min len (length (input_buf p)) in
    (with_queues p (terminal p) (drop n (input_buf p)) (output_buf p), take n (input_buf p)).

Definition slave_take_eof (p : PtyPair) : PtyPair * bool :=
  let '(t, eof) := take_eof (terminal p) in (with_queues p t (input_buf p) (output_buf p), eof).

Definition slave_write (p : PtyPair) (data : list Z) : PtyPair * list event :=
  (with_queues p (terminal p) (input_buf p) (output_buf p ++ onlcr (terminal p) data),
   if bool_decide (data = []) then []
   else Notify true :: if master_has_data p then [] else [Wake]).

Definition master_read (p : PtyPair) (len : nat) : PtyPair * list Z :=
  let n := Nat.min len (length (output_buf p)) in
  (with_queues p (terminal p) (input_buf p) (drop n (output_buf p)), take n (output_buf p)).

(** [tcsetattr] on a pseudoterminal ([sys_tcsetattr] after its checks): the
    input is prepared for the new local flags, then the attributes are
    replaced. *)
Definition set_attributes (p : PtyPair) (discard_input : bool) (buf : list Z) : option PtyPair :=
  lflag ← word_at buf 12;
  let p' := fst (prepare_termios_change p lflag discard_input) in
  t ← read_termios (terminal p') buf;
  Some (with_queues p' t (input_buf p') (output_buf p')).

(** ** The table *)

Abbreviation Table := (list (option PtyPair)).

Definition empty_table : Table := replicate MAX_PTYS None.

Definition is_free (slot : option PtyPair) : bool := bool_decide (slot = None).

(** [alloc_pty] takes the first free slot. *)
Definition alloc_pty (tb : Table) (uid gid : Z) : Table * option nat :=
  match position is_free tb with
  | Some i =>
      let pair := new_pair uid gid in
      (<[i := Some (mkPty (Z.of_nat i) (owner_uid pair) (owner_gid pair) (mode pair) (terminal pair)
                      (input_buf pair) (output_buf pair) (locked pair) (master_refs pair) (slave_refs pair))]> tb,
       Some i)
  | None => (tb, None)
  end.

Definition get_pty (tb : Table) (idx : nat) : option PtyPair :=
  if bool_decide (MAX_PTYS <= idx)%nat then None else slot ← tb !! idx; slot.

Definition free_pty (tb : Table) (idx : nat) : Table :=
  if bool_decide (idx < MAX_PTYS)%nat then <[idx := None]> tb else tb.

(** ** Where pending input lives

    In canonical mode the raw queue is empty, in raw mode the canonical
    queues are. *)
Record mode_ok (p : PtyPair) : Prop := {
  mk_canonical : is_canonical (terminal p) = true -> input_buf p = [];
  mk_raw : is_canonical (terminal p) = false -> cooked_buffer (terminal p) = [] /\ line_buffer (terminal p) = [];
}.

(** All input accepted and not yet read, in order. *)
Definition pending (p : PtyPair) : list Z :=
  input_buf p ++ cooked_buffer (terminal p) ++ line_buffer (terminal p).

(** What the slave can read now. *)
Definition readable (p : PtyPair) : list Z :=
  if is_canonical (terminal p) then cooked_buffer (terminal p) else input_buf p.

Inductive pty_step : PtyPair -> PtyPair -> Prop :=
  | ps_input p b : pty_step p (fst (process_master_input p b))
  | ps_slave_read p n : pty_step p (fst (slave_read p n))
  | ps_take_eof p : pty_step p (fst (slave_take_eof p))
  | ps_slave_write p data : pty_step p (fst (slave_write p data))
  | ps_master_read p n : pty_step p (fst (master_read p n))
  | ps_flush p : pty_step p (flush_input p)
  | ps_set_attributes p discard buf p' : set_attributes p discard buf = Some p' -> pty_step p p'.

(** Input leaves the attributes alone. *)
Lemma edit_line_lflag t b : c_lflag (fst (edit_line t b)) = c_lflag t.
Proof. unfold edit_line. repeat case_match; done. Qed.

Lemma process_lflag t b : c_lflag (fst (process_translated_input_byte t b)) = c_lflag t.
Proof.
  unfold process_translated_input_byte. case_match; simpl; [by case_match|].
  case_match; [|done]. pose proof (edit_line_lflag t b). by destruct (edit_line t b).
Qed.

Lemma process_canonical t b : is_canonical (fst (process_translated_input_byte t b)) = is_canonical t.
Proof. unfold is_canonical. by rewrite process_lflag. Qed.

(** Raw mode does not touch the canonical queues unless a signal flushes
    them. *)
Lemma process_raw t b : is_canonical t = false -> cooked_buffer t = [] -> line_buffer t = [] ->
  cooked_buffer (fst (process_translated_input_byte t b)) = []
  /\ line_buffer (fst (process_translated_input_byte t b)) = [].
Proof.
  intros Hc H1 H2. unfold process_translated_input_byte. case_match; simpl; [by case_match|]. by rewrite Hc.
Qed.

Lemma master_input_mode_ok p b : mode_ok p -> mode_ok (fst (process_master_input p b)).
Proof.
  intros [H1 H2]. unfold process_master_input. destruct (translate_input_byte _ _) as [byte|]; [|done].
  pose proof (process_canonical (terminal p) byte) as Hc. pose proof (process_raw (terminal p) byte) as Hr.
  destruct (process_translated_input_byte (terminal p) byte) as [t [echo [sig|]]]; simpl in *.
  - split; simpl; rewrite Hc; intros E.
    + rewrite H1 by done. by destruct (negb _).
    + destruct (H2 E). by apply Hr.
  - destruct (is_canonical t) eqn:Ec; split; simpl; rewrite Ec; intros E; try done.
    + apply H1. congruence.
    + destruct (H2 ltac:(congruence)). apply Hr; congruence.
Qed.

Lemma set_attributes_inv p discard buf p' : set_attributes p discard buf = Some p' ->
  exists lflag t, let q := fst (prepare_termios_change p lflag discard) in
    word_at buf 12 = Some lflag /\ p' = with_queues q t (input_buf q) (output_buf q)
    /\ is_canonical t = has_flag lflag ICANON /\ queues t = queues (terminal q).
Proof.
  unfold set_attributes. destruct (word_at buf 12) as [lflag|] eqn:Hl; [|done]. cbn [mbind option_bind].
  set (q := fst (prepare_termios_change p lflag discard)).
  destruct (read_termios (terminal q) buf) as [t|] eqn:Hr; [|done]. cbn [mbind option_bind]. intros [= <-].
  destruct (read_termios_lflag _ _ _ _ Hl Hr) as [Hlf Hq]. exists lflag, t. unfold is_canonical. by rewrite Hlf.
Qed.

Lemma set_attributes_spec p discard buf p' : mode_ok p -> set_attributes p discard buf = Some p' ->
  mode_ok p' /\ pending p' = (if discard then [] else pending p) /\ output_buf p' = output_buf p
  /\ (discard = false -> is_canonical (terminal p) = false \/ is_canonical (terminal p') = false ->
      readable p' = pending p).
Proof.
  intros [H1 H2] (lflag & t & _ & -> & Hct & Hq)%set_attributes_inv. unfold queues in Hq.
  injection Hq as Q1 Q2 Q3. unfold pending, readable. simpl. rewrite Q1, Q2.
  rewrite Hct. unfold prepare_termios_change in *. destruct discard; simpl in *.
  { by split_and!. }
  destruct (is_canonical (terminal p)) eqn:Hc, (has_flag lflag ICANON) eqn:Hn; simpl in *.
  - split_and!; try done; [|naive_solver]. split; simpl; rewrite Hct, ?Q1, ?Q2; naive_solver.
  - rewrite (H1 eq_refl) in *. simpl in *. split_and!; try done; [|by rewrite app_nil_r].
    split; simpl; rewrite Hct, ?Q1, ?Q2; naive_solver.
  - destruct (H2 eq_refl) as [E1 E2]. rewrite E1, E2 in *. simpl in *. rewrite app_nil_r in *. split_and!; try done.
    split; simpl; rewrite Hct, ?Q1, ?Q2; naive_solver.
  - destruct (H2 eq_refl) as [E1 E2]. rewrite E1, E2 in *. split_and!; try done; [|by rewrite app_nil_r].
    split; simpl; rewrite Hct; [done|]. by rewrite Q1, Q2.
Qed.

Lemma pty_step_mode_ok p p' : pty_step p p' -> mode_ok p -> mode_ok p'.
Proof.
  destruct 1 as [p b|p n|p|p data|p n|p|p discard buf p' E]; intros H; pose proof H as [H1 H2].
  - by apply master_input_mode_ok.
  - unfold slave_read, read_cooked. destruct (is_canonical (terminal p)) eqn:Hc; split; simpl;
      change (is_canonical (with_input _ _ _ _)) with (is_canonical (terminal p)); rewrite Hc; naive_solver.
  - done.
  - done.
  - done.
  - by split.
  - by apply (set_attributes_spec p discard buf p' H).
Qed.

Lemma reachable_mode_ok p0 p : input_buf p0 = [] -> terminal p0 = Terminal.new -> rtc pty_step p0 p -> mode_ok p.
Proof.
  intros Hi Ht H. assert (mode_ok p0) as H0 by (split; rewrite Ht; done).
  clear Hi Ht. induction H as [p|p q r Hs _ IH]; [done|]. apply IH. by eapply pty_step_mode_ok.
Qed.

Lemma take_min {A} n (l : list A) : take (Nat.min n (length l)) l = take n l.
Proof. by rewrite <- take_take, firstn_all. Qed.

(** ** Properties *)

(** C38. Input is never lost or reordered. On every pair reachable from a new
    one, a slave read removes a prefix of the pending input, the bytes it
    returns; and an attribute change that does not discard keeps the pending
    input exactly as it was, byte for byte across switches between canonical
    and raw mode, and a switch makes all of it readable at once. *)
Theorem pty_input_preserved uid gid p : rtc pty_step (new_pair uid gid) p ->
  (forall n, let '(p', bs) := slave_read p n in
     bs = take n (readable p) /\ pending p = bs ++ pending p')
  /\ (forall buf p', set_attributes p false buf = Some p' ->
     pending p' = pending p
     /\ (is_canonical (terminal p) <> is_canonical (terminal p') -> readable p' = pending p)).
Proof.
  intros H. assert (mode_ok p) as Hok by (by apply (reachable_mode_ok (new_pair uid gid))).
  pose proof Hok as [H1 H2]. split.
  - intros n. unfold slave_read, read_cooked, readable, pending. destruct (is_canonical (terminal p)) eqn:Hc; simpl.
    + rewrite H1 by done. simpl. split; [by rewrite take_min|].
      rewrite app_assoc, take_drop. done.
    + destruct (H2 eq_refl) as [-> ->]. split; [by rewrite take_min|].
      rewrite !app_nil_r. by rewrite take_drop.
  - intros buf p' E. destruct (set_attributes_spec p false buf p' Hok E) as (_ & Hp & _ & Hr).
    split; [done|]. intros Hne. apply Hr; [done|].
    destruct (is_canonical (terminal p)), (is_canonical (terminal p')); auto; congruence.
Qed.

(** A pair with a partial line, switched to raw mode. *)
Definition witness_pair : PtyPair :=
  fst (process_master_input (fst (process_master_input (new_pair 0 0) 97)) 98).
Definition raw_termios : list Z := replicate 60 0.

Lemma witness_pair_reachable : rtc pty_step (new_pair 0 0) witness_pair.
Proof. eapply rtc_l; [apply ps_input|]. eapply rtc_l; [apply ps_input|]. apply rtc_refl. Qed.

Lemma pty_input_preserved_witness :
  exists p', set_attributes witness_pair false raw_termios = Some p' /\ pending p' = pending witness_pair
    /\ pending witness_pair = [97; 98].
Proof.
  destruct (set_attributes witness_pair false raw_termios) as [p'|] eqn:E; [|vm_compute in E; discriminate].
  exists p'. split; [reflexivity|]. split; [|vm_compute; reflexivity].
  apply (proj2 (pty_input_preserved 0 0 witness_pair witness_pair_reachable) raw_termios p' E).
Defined.

Lemma concat_nil_iff t bs : onlcr t bs = [] <-> bs = [].
Proof.
  split; [|by intros ->]. destruct bs as [|b bs]; [done|]. unfold onlcr. simpl. unfold onlcr_byte at 1.
  by destruct (_ && _).
Qed.

(** No lost readiness. Whenever an operation makes a side readable that
    was not (input for the slave, output for the master, an armed end of
    input, or a mode switch that keeps pending input), it raises the
    wakeup that makes the host retry the blocked callers. *)
Theorem pty_readiness_is_announced p b data buf p' lflag :
  (let out := process_master_input p b in
   slave_has_data p = false /\ slave_has_data (fst out) = true
   \/ master_has_data p = false /\ master_has_data (fst out) = true -> In Wake (fst (snd out)))
  /\ (let out := slave_write p data in
      master_has_data p = false -> master_has_data (fst out) = true -> In Wake (snd out))
  /\ (set_attributes p false buf = Some p' -> word_at buf 12 = Some lflag ->
      slave_has_data p = false -> slave_has_data p' = true ->
      In Wake (snd (prepare_termios_change p lflag false))).
Proof.
  split_and!.
  - unfold process_master_input. destruct (translate_input_byte _ _) as [byte|]; [|simpl; naive_solver congruence].
    destruct (process_translated_input_byte (terminal p) byte) as [t [echo [sig|]]]; simpl; [by left|].
    intros H. rewrite !in_app_iff. right. right.
    match goal with |- In Wake (if ?c then _ else _) => assert (c = true) as ->; [|by left] end.
    apply orb_true_iff. destruct H as [[-> ->]|[-> ->]]; auto.
  - unfold slave_write, master_has_data. simpl. intros H1 H2. to_prop.
    rewrite bool_decide_eq_false_2.
    + rewrite H1. rewrite bool_decide_eq_true_2 by done. simpl. auto.
    + intros ->. apply H2. unfold onlcr. simpl. by rewrite app_nil_r.
  - intros (lf & t & Hw & -> & Hct & Hq)%set_attributes_inv Hl. assert (lf = lflag) as -> by congruence.
    unfold queues in Hq. injection Hq as Q1 Q2 Q3.
    unfold slave_has_data, has_cooked_data. simpl. rewrite Q2, Q3, Hct.
    unfold prepare_termios_change.
    destruct (is_canonical (terminal p)), (has_flag lflag ICANON); simpl; intros; first [congruence|auto].
Qed.

Lemma pty_readiness_is_announced_witness :
  In Wake (fst (snd (process_master_input witness_pair NL)))
  /\ In Wake (snd (slave_write (new_pair 0 0) [104; 105])).
Proof.
  destruct (pty_readiness_is_announced witness_pair NL [] [] witness_pair 0) as (H1 & _ & _).
  destruct (pty_readiness_is_announced (new_pair 0 0) 0 [104; 105] [] witness_pair 0) as (_ & H2 & _).
  split.
  - apply H1. left. split; vm_compute; reflexivity.
  - apply H2; vm_compute; reflexivity.
Defined.

(** Output order. What the slave writes reaches the master in order,
    after output processing of each byte and behind what was already queued:
    for any buffer sizes, successive master reads return consecutive pieces of
    the queued output; with output processing off the bytes are the ones
    written. *)
Theorem pty_output_fifo p data n : let p1 := fst (slave_write p data) in
  let '(p2, bs) := master_read p1 n in
  output_buf p ++ onlcr (terminal p) data = bs ++ output_buf p2
  /\ length bs = Nat.min n (length (output_buf p1))
  /\ (has_flag (c_oflag (terminal p)) OPOST = false -> onlcr (terminal p) data = data)
  /\ pending p2 = pending p.
Proof.
  simpl. split_and!.
  - by rewrite take_drop.
  - rewrite length_take. lia.
  - intros Ho. unfold onlcr. induction data as [|b data IH]; [done|]. simpl. rewrite IH.
    unfold onlcr_byte. by rewrite Ho.
  - done.
Qed.

(** Raw mode is transparent. In noncanonical mode with ISIG off, bytes
    that the input flags do not translate reach the slave unchanged and in
    order, whatever their value. *)
Theorem raw_input_transparent p bs : is_canonical (terminal p) = false ->
  has_flag (c_lflag (terminal p)) ISIG = false ->
  (forall b, In b bs -> translate_input_byte (terminal p) b = Some b) ->
  let p' := fold_left (fun p b => fst (process_master_input p b)) bs p in
  input_buf p' = input_buf p ++ bs /\ terminal p' = terminal p.
Proof.
  revert p. induction bs as [|b bs IH]; intros p Hc Hs Ht; simpl; [by rewrite app_nil_r|].
  assert (exists o, fst (process_master_input p b) = with_queues p (terminal p) (input_buf p ++ [b]) o) as [o Ho].
  { unfold process_master_input. rewrite (Ht b) by (by left).
    unfold process_translated_input_byte, signal_of. rewrite Hs, Hc. simpl. rewrite Hc. simpl. by eexists. }
  rewrite Ho. destruct (IH (with_queues p (terminal p) (input_buf p ++ [b]) o)) as [E1 E2]; try done.
  { intros x Hx. apply (Ht x). by right. }
  simpl in *. rewrite E1, <- app_assoc. done.
Qed.

Definition raw_pair : PtyPair :=
  match set_attributes (new_pair 0 0) false raw_termios with Some p => p | None => new_pair 0 0 end.

Lemma raw_input_transparent_witness :
  input_buf (fold_left (fun p b => fst (process_master_input p b)) [3; 13; 255; 4] raw_pair) = [3; 13; 255; 4].
Proof.
  apply (raw_input_transparent raw_pair [3; 13; 255; 4]); [vm_compute; reflexivity|vm_compute; reflexivity|].
  intros b H. simpl in H. intuition (subst; vm_compute; reflexivity).
Defined.

(** A signal character echoes into the output queue of the master but,
    unlike every other path that adds output, raises no epoll notification for
    it. *)
Theorem signal_echo_not_notified :
  let out := process_master_input (new_pair 0 0) 3 in
  output_buf (fst out) = [94; 67; 13; 10] /\ ~ In (Notify true) (fst (snd out)).
Proof. split; [vm_compute; reflexivity|]. vm_compute. intuition discriminate. Qed.

(** Allocation. [alloc_pty] takes the lowest free slot of the table and
    only that one, and hands out a fresh locked pair that knows its index; it
    fails exactly when every slot is taken; freeing makes the slot available
    again. *)
Theorem alloc_pty_lowest tb uid gid : length tb = MAX_PTYS ->
  match alloc_pty tb uid gid with
  | (tb', Some i) => (i < MAX_PTYS)%nat /\ tb !! i = Some None
      /\ (forall j, (j < i)%nat -> exists q, tb !! j = Some (Some q))
      /\ (exists q, get_pty tb' i = Some q /\ index q = Z.of_nat i /\ locked q = true /\ pending q = [])
      /\ (forall j, j <> i -> get_pty tb' j = get_pty tb j)
      /\ free_pty tb' i = tb
  | (tb', None) => tb' = tb /\ forall j, (j < MAX_PTYS)%nat -> exists q, get_pty tb j = Some q
  end.
Proof.
  intros Hl. unfold alloc_pty. destruct (position is_free tb) as [i|] eqn:E.
  - destruct (position_Some _ _ _ E) as (slot & Hs & Hf & Hb). unfold is_free in Hf. to_prop. subst slot.
    pose proof (lookup_lt_Some _ _ _ Hs) as Hlt. rewrite Hl in Hlt.
    split_and!; [done|done| | | |].
    + intros j Hj. destruct (lookup_lt_is_Some_2 tb j) as [slot Hslot]; [lia|]. rewrite Hslot.
      rewrite forallb_forall in Hb. specialize (Hb slot).
      assert (In slot (take i tb)) as Hin.
      { apply list_elem_of_In. apply list_elem_of_lookup. exists j. by rewrite lookup_take_lt. }
      specialize (Hb Hin). unfold is_free in Hb. to_prop. destruct slot; [eauto|done].
    + eexists. unfold get_pty. rewrite bool_decide_eq_false_2 by lia. rewrite list_lookup_insert_eq by lia. done.
    + intros j Hj. unfold get_pty. case_bool_decide; [done|]. by rewrite list_lookup_insert_ne.
    + unfold free_pty. rewrite bool_decide_eq_true_2 by done. rewrite list_insert_insert_eq. by apply list_insert_id.
  - split; [done|]. intros j Hj. destruct (lookup_lt_is_Some_2 tb j) as [slot Hslot]; [lia|].
    unfold get_pty. rewrite bool_decide_eq_false_2 by lia. rewrite Hslot. simpl.
    pose proof (proj1 (position_None _ _) E slot) as Hf. unfold is_free in Hf.
    destruct slot; [eauto|]. exfalso. rewrite bool_decide_eq_true_2 in Hf by done. discriminate Hf.
    apply list_elem_of_In. by eapply list_elem_of_lookup_2.
Qed.

Lemma alloc_pty_lowest_witness : snd (alloc_pty (fst (alloc_pty empty_table 0 0)) 0 0) = Some 1%nat
  /\ get_pty (fst (alloc_pty empty_table 0 0)) 5 = get_pty empty_table 5.
Proof.
  pose proof (alloc_pty_lowest empty_table 0 0 eq_refl) as H. split; [vm_compute; reflexivity|].
  destruct (alloc_pty empty_table 0 0) as [tb' r] eqn:E. assert (r = Some 0%nat) as -> by (vm_compute in E; congruence).
  apply H. lia.
Defined.
