(* ===== verification/Signal.v ===== *)
(** * Signals (crates/runtime-core/src/signal.rs)

    Dispositions, blocked masks and pending instances of a process
    ([SignalState]) and of a thread ([PerThreadSignalState]). The pending
    bitmask and the instance queue that both structures carry are the record
    [Pending]; a mask is a [Z] of 64 bits, signal [n] being bit [n - 1].

    The invariant [pending_ok] ties the two: a bit is set exactly when the
    queue holds an instance. Against it the queue is a family of queues, one
    per signal: real-time signals are first in first out, standard signals
    coalesce. *)

From S2P Require Import Prelude.

Definition SIGRTMIN : Z := 32.
Definition NSIG : Z := 65.
Definition SIGKILL : Z := 9.
Definition SIGSTOP : Z := 19.
Definition SIGCHLD : Z := 17.
Definition SIGCONT : Z := 18.
Definition SIGTSTP : Z := 20.
Definition SIGTTIN : Z := 21.
Definition SIGTTOU : Z := 22.
Definition SIGWINCH : Z := 28.
Definition SA_RESTART : Z := 268435456.

Definition sig_bit (signum : Z) : Z :=
  if (signum =? 0) || (65 <=? signum) then 0 else Z.shiftl 1 (signum - 1).

(** [x.trailing_zeros()] of a [u64]: 64 when no bit is set. *)
Definition trailing_zeros (x : Z) : Z :=
  match position (Z.testbit x) (seqZ 0 64) with Some i => Z.of_nat i | None => 64 end.

Inductive SignalHandler : Type := Default | Ignore | Handler (f : Z).
#[global] Instance SignalHandler_eq_dec : EqDecision SignalHandler.
Proof. solve_decision. Defined.

Record SignalAction : Type := mkAction { handler : SignalHandler; flags : Z; mask : Z }.
Definition default_sigaction : SignalAction := mkAction Default 0 0.

Inductive DefaultAction : Type := Terminate | DefaultIgnore | CoreDump | Stop | DefaultContinue.
#[global] Instance DefaultAction_eq_dec : EqDecision DefaultAction.
Proof. solve_decision. Defined.

Definition default_action (signum : Z) : DefaultAction :=
  if (signum =? SIGCHLD) || (signum =? SIGWINCH) then DefaultIgnore
  else if signum =? SIGCONT then DefaultContinue
  else if (signum =? SIGSTOP) || (signum =? SIGTSTP) || (signum =? SIGTTIN) || (signum =? SIGTTOU) then Stop
  else Terminate.

Definition should_discard_pending (signum : Z) (h : SignalHandler) : bool :=
  match h with
  | Ignore => true
  | Default => bool_decide (default_action signum = DefaultIgnore)
  | Handler _ => false
  end.

(** ** Pending instances *)

Record RtSigEntry : Type := mkEntry {
  signum : Z; si_value_bits : Z; si_code : Z; sender_pid : Z; sender_uid : Z; timer_id : option Z }.

Record PendingSignalInfo : Type := mkInfo {
  info_value : Z; info_code : Z; info_pid : Z; info_uid : Z; info_timer : option Z }.
Definition default_info : PendingSignalInfo := mkInfo 0 0 0 0 None.
Definition info_of (e : RtSigEntry) : PendingSignalInfo :=
  mkInfo (si_value_bits e) (si_code e) (sender_pid e) (sender_uid e) (timer_id e).

(** The two fields [pending] and [rt_queue] of both structures. *)
Record Pending : Type := mkPending { pending : Z; rt_queue : list RtSigEntry }.
Definition no_pending : Pending := mkPending 0 [].

Definition of_signal (s : Z) (e : RtSigEntry) : bool := signum e =? s.
Definition is_valid (s : Z) : bool := (0 <? s) && (s <? NSIG).

(** [pending &= !sig_bit(signum)] unless the queue still has an instance. *)
Definition clear_if_gone (p : Pending) (s : Z) : Pending :=
  if existsb (of_signal s) (rt_queue p) then p
  else mkPending (Z.ldiff (pending p) (sig_bit s)) (rt_queue p).

Definition consume_pending_info (p : Pending) (s : Z) : Pending * PendingSignalInfo :=
  if (s =? 0) || (NSIG <=? s) then (p, default_info)
  else
    let '(q, info) :=
      match position (of_signal s) (rt_queue p) with
      | Some pos => (remove_at pos (rt_queue p),
                     match rt_queue p !! pos with Some e => info_of e | None => default_info end)
      | None => (rt_queue p, default_info)
      end in
    (clear_if_gone (mkPending (pending p) q) s, info).

Definition of_timer (id : Z) (e : RtSigEntry) : bool := bool_decide (timer_id e = Some id).

Definition remove_timer_info (p : Pending) (id : Z) : Pending * bool :=
  match List.find (of_timer id) (rt_queue p) with
  | Some e =>
      (clear_if_gone (mkPending (pending p) (List.filter (fun e => negb (of_timer id e)) (rt_queue p))) (signum e), true)
  | None => (p, false)
  end.

(** [iter_mut().find(p)] followed by an update of the entry found. *)
Fixpoint update_first {A} (p : A -> bool) (f : A -> A) (l : list A) : list A :=
  match l with
  | [] => []
  | x :: l' => if p x then f x :: l' else x :: update_first p f l'
  end.

Definition coalesces (s : Z) (e : RtSigEntry) : bool :=
  (signum e =? s) && bool_decide (timer_id e = None).

(** What [raise_internal] does to the pending instances. *)
Definition enqueue (p : Pending) (s value code pid uid : Z) : Pending :=
  let entry := mkEntry s value code pid uid None in
  mkPending (Z.lor (pending p) (sig_bit s))
    (if SIGRTMIN <=? s then rt_queue p ++ [entry]
     else if existsb (coalesces s) (rt_queue p) then
       (if code =? 0 then rt_queue p
        else update_first (coalesces s) (fun e => mkEntry (signum e) value code pid uid (timer_id e)) (rt_queue p))
     else rt_queue p ++ [entry]).

(** What [raise_timer] does. *)
Definition enqueue_timer (p : Pending) (s value id : Z) : Pending :=
  let q := if (s <? SIGRTMIN) && negb (Z.land (pending p) (sig_bit s) =? 0)
              && negb (existsb (of_signal s) (rt_queue p))
           then rt_queue p ++ [mkEntry s 0 0 0 0 None] else rt_queue p in
  mkPending (Z.lor (pending p) (sig_bit s)) (q ++ [mkEntry s value (-2) 0 0 (Some id)]).

(** [clear_pending] (and [clear]). *)
Definition clear_signal (p : Pending) (s : Z) : Pending :=
  if is_valid s
  then mkPending (Z.ldiff (pending p) (sig_bit s)) (List.filter (fun e => negb (of_signal s e)) (rt_queue p))
  else p.

(** ** Thread-directed signals *)

Inductive SignalMaskWaitKind : Type := Ppoll | Pselect | Sigsuspend | Pause | EpollPwait.
Inductive SignalMaskWaitState : Type := Active | Interrupted (handler_depth : Z).
Record SignalMaskWaitContext : Type := mkWait {
  saved_mask : Z; replacement_mask : Z; kind : SignalMaskWaitKind; wait_state : SignalMaskWaitState }.

Record PerThreadSignalState : Type := mkThread {
  thread_generation : Z;
  thread_blocked : Z;
  thread_pending : Pending;
  mask_waits : list SignalMaskWaitContext;
  caught_handler_depth : Z;
  returned_handler_depths : list Z;
}.

Definition new_thread : PerThreadSignalState := mkThread 0 0 no_pending [] 0 [].

Definition with_thread_pending (t : PerThreadSignalState) (generation : Z) (p : Pending) : PerThreadSignalState :=
  mkThread generation (thread_blocked t) p (mask_waits t) (caught_handler_depth t) (returned_handler_depths t).

Definition thread_raise_internal (t : PerThreadSignalState) (s value code pid uid : Z) : PerThreadSignalState * bool :=
  if (s =? 0) || (NSIG <=? s) then (t, false)
  else (with_thread_pending t (wrapping_add 64 (thread_generation t) 1)
          (enqueue (thread_pending t) s value code pid uid), true).

Definition thread_raise_timer (t : PerThreadSignalState) (s value id : Z) : PerThreadSignalState * bool :=
  if (s =? 0) || (NSIG <=? s) then (t, false)
  else (with_thread_pending t (wrapping_add 64 (thread_generation t) 1)
          (enqueue_timer (thread_pending t) s value id), true).

Definition thread_consume_one_info (t : PerThreadSignalState) (s : Z) : PerThreadSignalState * PendingSignalInfo :=
  let '(p, info) := consume_pending_info (thread_pending t) s in
  (with_thread_pending t (thread_generation t) p, info).

Definition thread_remove_timer_notification (t : PerThreadSignalState) (id : Z) : PerThreadSignalState * bool :=
  let '(p, r) := remove_timer_info (thread_pending t) id in
  (with_thread_pending t (thread_generation t) p, r).

Definition thread_clear_pending (t : PerThreadSignalState) (s : Z) : PerThreadSignalState :=
  with_thread_pending t (thread_generation t) (clear_signal (thread_pending t) s).

Definition thread_consume_one (t : PerThreadSignalState) (s : Z) : PerThreadSignalState * option (Z * Z) :=
  if (s =? 0) || (NSIG <=? s) || (Z.land (pending (thread_pending t)) (sig_bit s) =? 0) then (t, None)
  else let '(t', info) := thread_consume_one_info t s in (t', Some (info_value info, info_code info)).

Definition thread_is_pending (t : PerThreadSignalState) (s : Z) : bool :=
  is_valid s && negb (Z.land (pending (thread_pending t)) (sig_bit s) =? 0).
Definition thread_is_blocked (t : PerThreadSignalState) (s : Z) : bool :=
  if NSIG <=? s then false else negb (Z.land (thread_blocked t) (sig_bit s) =? 0).

Definition thread_dequeue (t : PerThreadSignalState) : PerThreadSignalState * option (Z * Z * Z) :=
  let deliverable := Z.ldiff (pending (thread_pending t)) (thread_blocked t) in
  if deliverable =? 0 then (t, None)
  else
    let s := trailing_zeros deliverable + 1 in
    if NSIG <=? s then (t, None)
    else match thread_consume_one t s with
         | (t', Some (v, c)) => (t', Some (s, v, c))
         | (t', None) => (t', None)
         end.

(** ** Process signals *)

Record SignalState : Type := mkSignals {
  readiness_generation : Z;
  actions : list SignalAction;
  blocked : Z;
  shared_pending : Pending;
}.

Definition new : SignalState := mkSignals 0 (replicate 65 default_sigaction) 0 no_pending.

Definition action_at (st : SignalState) (s : Z) : SignalAction :=
  nth (Z.to_nat s) (actions st) default_sigaction.

Definition get_action (st : SignalState) (s : Z) : SignalAction :=
  if (s =? 0) || (65 <=? s) then default_sigaction else action_at st s.
Definition get_handler (st : SignalState) (s : Z) : SignalHandler :=
  if (s =? 0) || (65 <=? s) then Default else handler (action_at st s).

Definition with_shared (st : SignalState) (generation : Z) (p : Pending) : SignalState :=
  mkSignals generation (actions st) (blocked st) p.
Definition with_action (st : SignalState) (s : Z) (a : SignalAction) : SignalState :=
  mkSignals (readiness_generation st) (<[Z.to_nat s := a]> (actions st)) (blocked st) (shared_pending st).

Definition clear_pending (st : SignalState) (s : Z) : SignalState :=
  with_shared st (readiness_generation st) (clear_signal (shared_pending st) s).

(** [set_action]; the error [Err(())] is [None]. *)
Definition set_action (st : SignalState) (s : Z) (a : SignalAction) : SignalState * option SignalAction :=
  if (s =? 0) || (65 <=? s) || (s =? SIGKILL) || (s =? SIGSTOP) then (st, None)
  else
    let st' := with_action st s a in
    (if should_discard_pending s (handler a) then clear_pending st' s else st', Some (action_at st s)).

(** [set_handler]: the flags and the mask of the action stay. *)
Definition set_handler (st : SignalState) (s : Z) (h : SignalHandler) : SignalState * option SignalHandler :=
  if (s =? 0) || (65 <=? s) || (s =? SIGKILL) || (s =? SIGSTOP) then (st, None)
  else
    let old := action_at st s in
    let st' := with_action st s (mkAction h (flags old) (mask old)) in
    (if should_discard_pending s h then clear_pending st' s else st', Some (handler old)).

Definition reset_action (a : SignalAction) : SignalAction :=
  mkAction (match handler a with Ignore => Ignore | _ => Default end) 0 0.

Definition reset_dispositions_for_exec (st : SignalState) : SignalState :=
  mkSignals (readiness_generation st)
    (match actions st with [] => [] | a :: rest => a :: map reset_action rest end)
    (blocked st) (shared_pending st).

Definition raise_internal (st : SignalState) (s value code pid uid : Z) : SignalState * bool :=
  if (s =? 0) || (65 <=? s) then (st, false)
  else if should_discard_pending s (handler (action_at st s)) then (st, true)
  else (with_shared st (wrapping_add 64 (readiness_generation st) 1)
          (enqueue (shared_pending st) s value code pid uid), true).

Definition raise (st : SignalState) (s : Z) := raise_internal st s 0 0 0 0.
Definition raise_with_value (st : SignalState) (s v : Z) := raise_internal st s v (-1) 0 0.

Definition raise_timer (st : SignalState) (s value id : Z) : SignalState * bool :=
  if (s =? 0) || (NSIG <=? s) then (st, false)
  else (with_shared st (wrapping_add 64 (readiness_generation st) 1)
          (enqueue_timer (shared_pending st) s value id), true).

Definition is_pending (st : SignalState) (s : Z) : bool :=
  if 65 <=? s then false else negb (Z.land (pending (shared_pending st)) (sig_bit s) =? 0).
Definition is_blocked (st : SignalState) (s : Z) : bool :=
  if 65 <=? s then false else negb (Z.land (blocked st) (sig_bit s) =? 0).

Definition remove_timer_notification (st : SignalState) (id : Z) : SignalState * bool :=
  let '(p, r) := remove_timer_info (shared_pending st) id in
  (with_shared st (readiness_generation st) p, r).

Definition consume_one (st : SignalState) (s : Z) : SignalState * PendingSignalInfo :=
  let '(p, info) := consume_pending_info (shared_pending st) s in
  (with_shared st (readiness_generation st) p, info).

Definition deliverable (st : SignalState) : Z := Z.ldiff (pending (shared_pending st)) (blocked st).

Definition peek_deliverable (st : SignalState) : option Z :=
  if deliverable st =? 0 then None
  else let s := trailing_zeros (deliverable st) + 1 in if 65 <=? s then None else Some s.

Definition dequeue (st : SignalState) : SignalState * option (Z * Z * Z) :=
  if deliverable st =? 0 then (st, None)
  else
    let s := trailing_zeros (deliverable st) + 1 in
    let '(st', info) := consume_one st s in
    (st', Some (s, info_value info, info_code info)).

Definition should_restart (st : SignalState) : bool :=
  if deliverable st =? 0 then false
  else let s := trailing_zeros (deliverable st) + 1 in
       if 65 <=? s then false else negb (Z.land (flags (action_at st s)) SA_RESTART =? 0).

(** The [handlers] array, and the constructors of fork and exec. *)
Definition handlers (st : SignalState) : list SignalHandler := map handler (actions st).
Definition of_handlers (hs : list SignalHandler) : list SignalAction := map (fun h => mkAction h 0 0) hs.
Definition from_parts (hs : list SignalHandler) (blk : Z) : SignalState :=
  mkSignals 0 (of_handlers hs) blk no_pending.
Definition from_actions (acts : list SignalAction) (blk : Z) : SignalState := mkSignals 0 acts blk no_pending.
Definition from_parts_with_pending (hs : list SignalHandler) (blk pend : Z) : SignalState :=
  mkSignals 0 (of_handlers hs) blk
    (mkPending pend (map (fun s => mkEntry s 0 0 0 0 None)
       (List.filter (fun s => negb (Z.land pend (sig_bit s) =? 0)) (seqZ 1 64)))).

(** ** Bits *)

Definition valid (s : Z) : Prop := 1 <= s <= 64.

Lemma sig_bit_spec s i : valid s -> Z.testbit (sig_bit s) i = (i =? s - 1).
Proof.
  unfold valid, sig_bit. intros H. rewrite (proj2 (Z.eqb_neq s 0)), (proj2 (Z.leb_gt 65 s)) by lia. simpl.
  rewrite Z.shiftl_1_l, Z.pow2_bits_eqb by lia. apply Z.eqb_sym.
Qed.

Lemma land_sig_bit x s : valid s -> (Z.land x (sig_bit s) =? 0) = negb (Z.testbit x (s - 1)).
Proof.
  intros H. destruct (Z.testbit x (s - 1)) eqn:E; simpl.
  - apply Z.eqb_neq. intros E0. assert (Z.testbit (Z.land x (sig_bit s)) (s - 1) = true) as E1.
    { by rewrite Z.land_spec, sig_bit_spec, E, Z.eqb_refl. }
    by rewrite E0, Z.testbit_0_l in E1.
  - apply Z.eqb_eq, Z.bits_inj_0. intros i. rewrite Z.land_spec, sig_bit_spec by done.
    destruct (Z.eqb_spec i (s - 1)) as [->|]; [by rewrite E|apply andb_false_r].
Qed.

Lemma ldiff_sig_bit x s i : valid s ->
  Z.testbit (Z.ldiff x (sig_bit s)) i = Z.testbit x i && negb (i =? s - 1).
Proof. intros H. by rewrite Z.ldiff_spec, sig_bit_spec. Qed.

Lemma lor_sig_bit x s i : valid s -> Z.testbit (Z.lor x (sig_bit s)) i = Z.testbit x i || (i =? s - 1).
Proof. intros H. by rewrite Z.lor_spec, sig_bit_spec. Qed.

Lemma sig_bit_nonneg s : 0 <= sig_bit s.
Proof. unfold sig_bit. destruct (_ || _) eqn:E; [lia|]. apply Z.shiftl_nonneg. lia. Qed.

(** The guards of the methods. *)
Lemma guard_valid s : valid s -> (s =? 0) || (65 <=? s) = false.
Proof. unfold valid. intros H. by rewrite (proj2 (Z.eqb_neq s 0)), (proj2 (Z.leb_gt 65 s)) by lia. Qed.
Lemma is_valid_spec s : is_valid s = true <-> valid s.
Proof. unfold is_valid, valid, NSIG. rewrite andb_true_iff, !Z.ltb_lt. lia. Qed.

(** A mask of 64 bits. *)
Definition mask64 (x : Z) : Prop := 0 <= x /\ forall i, Z.testbit x i = true -> 0 <= i < 64.

Lemma mask64_ldiff x y : mask64 x -> mask64 (Z.ldiff x y).
Proof.
  intros [H1 H2]. split; [apply Z.ldiff_nonneg; auto|]. intros i. rewrite Z.ldiff_spec. intros [Hi _]%andb_true_iff. auto.
Qed.
Lemma mask64_lor x s : mask64 x -> valid s -> mask64 (Z.lor x (sig_bit s)).
Proof.
  intros [H1 H2] Hs. split; [apply Z.lor_nonneg; split; [done|apply sig_bit_nonneg]|]. intros i. rewrite lor_sig_bit by done.
  intros [Hi|Hi]%orb_true_iff; [auto|]. apply Z.eqb_eq in Hi. unfold valid in Hs. lia.
Qed.

(** The lowest bit. *)
Lemma trailing_zeros_spec x : mask64 x -> x <> 0 ->
  let i := trailing_zeros x in
  0 <= i < 64 /\ Z.testbit x i = true /\ forall j, 0 <= j < i -> Z.testbit x j = false.
Proof.
  intros [H1 H2] Hx. unfold trailing_zeros. destruct (position (Z.testbit x) (seqZ 0 64)) as [i|] eqn:E.
  - destruct (position_Some _ _ _ E) as (y & Hy & Hb & Hn). pose proof Hy as Hy'.
    apply lookup_seqZ in Hy' as [-> Hlt]. simpl in *. split; [lia|]. split; [done|]. intros j Hj.
    rewrite forallb_forall in Hn. specialize (Hn j). apply negb_true_iff, Hn.
    apply list_elem_of_In, list_elem_of_lookup. exists (Z.to_nat j). rewrite lookup_take_lt by lia.
    apply lookup_seqZ. lia.
  - exfalso. apply Hx, Z.bits_inj_0. intros i. destruct (Z.testbit x i) eqn:Ei; [|done]. exfalso.
    pose proof (proj1 (position_None _ _) E i) as Hn. rewrite Hn in Ei; [done|].
    apply list_elem_of_In, elem_of_seqZ. apply H2 in Ei. lia.
Qed.

(** ** Queues *)

Section Filters.
Context {A : Type}.
Implicit Types (p q : A -> bool) (l : list A).

Lemma filter_remove_at p l i : position p l = Some i ->
  List.filter p (remove_at i l) = tail (List.filter p l) /\ head (List.filter p l) = l !! i
  /\ forall q, (forall x, p x = true -> q x = false) -> List.filter q (remove_at i l) = List.filter q l.
Proof.
  revert i. induction l as [|x l IH]; intros i; [done|]. cbn [position]. destruct (p x) eqn:Hp.
  - intros [= <-]. simpl. rewrite Hp. split_and!; try done. intros q Hq. by rewrite (Hq x Hp).
  - destruct (position p l) as [j|] eqn:E; [|done]. intros [= <-]. destruct (IH j eq_refl) as (H1 & H2 & H3).
    unfold remove_at in *. simpl. rewrite Hp. split_and!; [done|done|].
    intros q Hq. by rewrite (H3 q Hq).
Qed.

Lemma filter_update_first p q f l : (forall x, p x = true -> q (f x) = q x) ->
  length (List.filter q (update_first p f l)) = length (List.filter q l)
  /\ ((forall x, p x = true -> q x = false) -> List.filter q (update_first p f l) = List.filter q l).
Proof.
  intros Hf. induction l as [|x l [IH1 IH2]]; [done|]. simpl. destruct (p x) eqn:Hp; simpl.
  - rewrite (Hf x Hp). split; [by destruct (q x)|]. intros Hq. by rewrite (Hq x Hp).
  - split; [destruct (q x); simpl; lia|]. intros Hq. by rewrite IH2.
Qed.

Lemma existsb_filter p l : existsb p l = negb (bool_decide (List.filter p l = [])).
Proof. induction l as [|x l IH]; [done|]. simpl. by destruct (p x). Qed.

Lemma filter_filter p q l : List.filter p (List.filter q l) = List.filter (fun x => p x && q x) l.
Proof. induction l as [|x l IH]; [done|]. simpl. destruct (q x); simpl; destruct (p x); simpl; by rewrite ?IH. Qed.

Lemma filter_ext_in p q l : (forall x, In x l -> p x = q x) -> List.filter p l = List.filter q l.
Proof.
  induction l as [|x l IH]; [done|]. intros H. simpl. rewrite (H x) by (by left).
  rewrite IH by (intros; apply H; by right). done.
Qed.
End Filters.

(** The instances of one signal, oldest first. *)
Definition instances (p : Pending) (s : Z) : list RtSigEntry := List.filter (of_signal s) (rt_queue p).

(** ** The invariant of the pending instances *)

Record pending_ok (p : Pending) : Prop := {
  po_mask : mask64 (pending p);
  po_bit s : valid s -> Z.testbit (pending p) (s - 1) = negb (bool_decide (instances p s = []));
  po_valid e : In e (rt_queue p) -> valid (signum e);
  po_coalesced s : s < SIGRTMIN -> (length (List.filter (coalesces s) (rt_queue p)) <= 1)%nat;
  po_timer e1 e2 id : In e1 (rt_queue p) -> In e2 (rt_queue p) ->
    timer_id e1 = Some id -> timer_id e2 = Some id -> signum e1 = signum e2;
}.

#[global] Instance entry_eq_dec : EqDecision RtSigEntry.
Proof. solve_decision. Defined.

Lemma no_pending_ok : pending_ok no_pending.
Proof.
  split.
  - split; [done|]. intros i. simpl. by rewrite Z.testbit_0_l.
  - intros s Hs. simpl. by rewrite Z.testbit_0_l.
  - done.
  - simpl. lia.
  - done.
Qed.

Lemma in_update_first {A} (p : A -> bool) f l x : In x (update_first p f l) -> In x l \/ exists y, In y l /\ x = f y.
Proof.
  induction l as [|y l IH]; simpl; [done|]. destruct (p y); simpl; intros [<-|H]; eauto.
  destruct (IH H) as [?|(z & ? & ?)]; eauto.
Qed.

(** The queue of [enqueue], by cases. *)
Lemma enqueue_cases p s v c pid uid : valid s ->
  let q := rt_queue (enqueue p s v c pid uid) in
  q = rt_queue p ++ [mkEntry s v c pid uid None] /\ (s < SIGRTMIN -> List.filter (coalesces s) (rt_queue p) = [])
  \/ s < SIGRTMIN /\ instances p s <> [] /\
     (q = rt_queue p \/ q = update_first (coalesces s) (fun e => mkEntry (signum e) v c pid uid (timer_id e)) (rt_queue p)).
Proof.
  intros Hs q. unfold q, enqueue. simpl. destruct (Z.leb_spec SIGRTMIN s) as [Hr|Hr]; [left; split; [done|lia]|].
  destruct (existsb (coalesces s) (rt_queue p)) eqn:E.
  - right. split; [done|]. split.
    + apply existsb_exists in E as (e & He & Hc). unfold coalesces in Hc. to_prop.
      intros Hn. assert (In e (instances p s)) as Hin; [|by rewrite Hn in Hin].
      apply List.filter_In. split; [done|]. by apply Z.eqb_eq.
    + destruct (c =? 0); auto.
  - left. split; [done|]. intros _. rewrite existsb_filter in E. by to_prop.
Qed.

Lemma enqueue_instances p s v c pid uid s' : valid s -> s' <> s ->
  instances (enqueue p s v c pid uid) s' = instances p s'.
Proof.
  intros Hs Hne. unfold instances. destruct (enqueue_cases p s v c pid uid Hs) as [[-> _]|(_ & _ & [->| ->])]; [|done|].
  - rewrite List.filter_app. simpl. unfold of_signal at 2. simpl. rewrite (proj2 (Z.eqb_neq _ _)) by done. apply app_nil_r.
  - apply filter_update_first; unfold coalesces, of_signal; [done|]. intros x Hx. to_prop. apply Z.eqb_neq. congruence.
Qed.

Lemma enqueue_nonempty p s v c pid uid : valid s -> instances (enqueue p s v c pid uid) s <> [].
Proof.
  intros Hs. unfold instances. destruct (enqueue_cases p s v c pid uid Hs) as [[-> _]|(_ & Hn & [->| ->])]; [|done|].
  - rewrite List.filter_app. simpl. unfold of_signal at 2. simpl. rewrite Z.eqb_refl. by intros [_ E]%app_eq_nil.
  - destruct (filter_update_first (coalesces s) (of_signal s) (fun e => mkEntry (signum e) v c pid uid (timer_id e)) (rt_queue p))
      as [Hl _]; [done|]. intros E. apply Hn. unfold instances. rewrite E in Hl. by apply length_zero_iff_nil.
Qed.

Lemma enqueue_ok p s v c pid uid : pending_ok p -> valid s -> pending_ok (enqueue p s v c pid uid).
Proof.
  intros [P1 P2 P3 P4 P5] Hs. split.
  - simpl. by apply mask64_lor.
  - intros s' Hs'. simpl. rewrite lor_sig_bit by done. destruct (Z.eqb_spec (s' - 1) (s - 1)) as [E|E].
    + replace s' with s by lia. rewrite orb_true_r. rewrite bool_decide_eq_false_2; [done|]. by apply enqueue_nonempty.
    + rewrite orb_false_r, enqueue_instances by (done || congruence). by apply P2.
  - intros e. destruct (enqueue_cases p s v c pid uid Hs) as [[-> _]|(_ & _ & [->| ->])]; [|apply P3|].
    + intros [He|[<-|[]]]%in_app_iff; [by apply P3|done].
    + intros [He|(y & Hy & ->)]%in_update_first; [by apply P3|]. simpl. by apply P3.
  - intros s' Hlt. destruct (enqueue_cases p s v c pid uid Hs) as [[-> Hnil]|(_ & _ & [->| ->])]; [|by apply P4|].
    + rewrite List.filter_app, length_app. simpl. unfold coalesces at 2. simpl.
      destruct (Z.eqb_spec s s') as [->|]; simpl; [rewrite Hnil by done; simpl; lia|]. specialize (P4 s' Hlt). lia.
    + destruct (filter_update_first (coalesces s) (coalesces s')
        (fun e => mkEntry (signum e) v c pid uid (timer_id e)) (rt_queue p)) as [-> _]; [done|by apply P4].
  - intros e1 e2 id. destruct (enqueue_cases p s v c pid uid Hs) as [[-> _]|(_ & _ & [->| ->])]; [|apply P5|].
    + rewrite !in_app_iff. simpl. intros [H1|[<-|[]]] [H2|[<-|[]]]; try done. by apply P5.
    + intros H1 H2 T1 T2. apply in_update_first in H1 as [H1|(y1 & H1 & ->)], H2 as [H2|(y2 & H2 & ->)]; simpl in *; by eapply P5.
Qed.

(** The common end of the operations that remove instances. *)
Lemma clear_if_gone_ok p q s : pending_ok p -> valid s ->
  (forall e, In e q -> In e (rt_queue p)) ->
  (forall s', s' <> s -> List.filter (of_signal s') q = instances p s') ->
  (forall s', (length (List.filter (coalesces s') q) <= length (List.filter (coalesces s') (rt_queue p)))%nat) ->
  (List.filter (of_signal s) q <> [] -> instances p s <> []) ->
  pending_ok (clear_if_gone (mkPending (pending p) q) s).
Proof.
  intros [P1 P2 P3 P4 P5] Hs Hsub Hother Hlen Hne.
  assert (rt_queue (clear_if_gone (mkPending (pending p) q) s) = q) as Eq
    by (unfold clear_if_gone; by destruct (existsb _ _)).
  assert (forall s', valid s' -> Z.testbit (pending (clear_if_gone (mkPending (pending p) q) s)) (s' - 1)
    = negb (bool_decide (List.filter (of_signal s') q = []))) as Hbits.
  { intros s' Hs'. unfold clear_if_gone. simpl. rewrite existsb_filter.
    destruct (decide (s' = s)) as [->|Hn].
    - case_bool_decide as E; simpl.
      + rewrite ldiff_sig_bit, Z.eqb_refl by done. apply andb_false_r.
      + rewrite P2 by done. by rewrite bool_decide_eq_false_2 by auto.
    - rewrite (Hother s') by done. rewrite <- P2 by done. case_bool_decide; simpl; [|done].
      rewrite ldiff_sig_bit by done. rewrite (proj2 (Z.eqb_neq _ _)) by lia. apply andb_true_r. }
  split; unfold instances; rewrite ?Eq; eauto.
  - unfold clear_if_gone. destruct (existsb _ _); simpl; [done|]. by apply mask64_ldiff.
  - intros s' Hlt. specialize (Hlen s'). specialize (P4 s' Hlt). lia.
Qed.

Lemma remove_at_filter_le {A} (p : A -> bool) i l :
  (length (List.filter p (remove_at i l)) <= length (List.filter p l))%nat.
Proof.
  unfold remove_at. rewrite List.filter_app, length_app. rewrite <- (take_drop i l) at 3.
  rewrite List.filter_app, length_app. destruct (drop i l) as [|x r] eqn:E.
  - rewrite (drop_ge l (S i)); [simpl; lia|]. assert (length (drop i l) = 0)%nat as H by (by rewrite E).
    rewrite length_drop in H. lia.
  - assert (drop (S i) l = r) as ->.
    { replace (S i) with (i + 1)%nat by lia. by rewrite <- drop_drop, E. }
    simpl. destruct (p x); simpl; lia.
Qed.

(** An invalid number is refused, as in the source, before anything is
    touched. *)
Definition in_u32 (s : Z) : Prop := 0 <= s.

Lemma guard_cases s : in_u32 s -> valid s \/ (s =? 0) || (65 <=? s) = true.
Proof. unfold in_u32, valid. intros H. destruct (Z.eqb_spec s 0), (Z.leb_spec 65 s); simpl; auto. lia. Qed.

(** Consuming takes the oldest instance of the signal and no other. *)
Lemma consume_instances p s : valid s -> let '(p', info) := consume_pending_info p s in
  instances p' s = tail (instances p s)
  /\ info = match instances p s with e :: _ => info_of e | [] => default_info end
  /\ forall s', s' <> s -> instances p' s' = instances p s'.
Proof.
  intros Hs. unfold consume_pending_info, NSIG. rewrite (guard_valid s Hs).
  assert (forall q b, instances (clear_if_gone (mkPending b q) s) = fun s' => List.filter (of_signal s') q) as Hi.
  { intros q b. unfold instances, clear_if_gone. by destruct (existsb _ _). }
  destruct (position (of_signal s) (rt_queue p)) as [i|] eqn:E; rewrite Hi.
  - destruct (filter_remove_at _ _ _ E) as (H1 & H2 & H3). split_and!; [done| |].
    + unfold instances. rewrite <- H2. by destruct (List.filter (of_signal s) (rt_queue p)).
    + intros s' Hne. apply H3. unfold of_signal. intros x Hx. to_prop. apply Z.eqb_neq. congruence.
  - assert (instances p s = []) as Hn.
    { unfold instances. pose proof (proj1 (position_None _ _) E) as Hf. clear -Hf.
      induction (rt_queue p) as [|x l IH]; [done|]. simpl. rewrite (Hf x) by (by left). apply IH.
      intros y Hy. apply Hf. by right. }
    unfold instances in *. rewrite Hn. done.
Qed.

Lemma consume_ok p s : pending_ok p -> in_u32 s -> pending_ok (fst (consume_pending_info p s)).
Proof.
  intros Hp Hs. destruct (guard_cases s Hs) as [Hv|Hg].
  2:{ unfold consume_pending_info. unfold NSIG. by rewrite Hg. }
  pose proof (consume_instances p s Hv) as Hi. unfold consume_pending_info in *.
  unfold NSIG in *. rewrite (guard_valid s Hv) in *.
  destruct (position (of_signal s) (rt_queue p)) as [i|] eqn:E; simpl in *.
  - destruct (filter_remove_at _ _ _ E) as (H1 & H2 & H3). apply clear_if_gone_ok; [done|done| | | |].
    + intros e. apply in_remove_at.
    + intros s' Hne. apply H3. unfold of_signal. intros x Hx. to_prop. apply Z.eqb_neq. congruence.
    + intros s'. apply remove_at_filter_le.
    + rewrite H1. intros Hn E0. unfold instances in E0. by rewrite E0 in Hn.
  - apply clear_if_gone_ok; auto.
Qed.

Lemma clear_signal_spec p s : pending_ok p -> in_u32 s ->
  pending_ok (clear_signal p s)
  /\ (valid s -> instances (clear_signal p s) s = [])
  /\ forall s', s' <> s -> instances (clear_signal p s) s' = instances p s'.
Proof.
  intros Hp Hs. unfold clear_signal. destruct (is_valid s) eqn:Ev.
  2:{ split; [done|]. split; [|done]. intros Hv%is_valid_spec. congruence. }
  apply is_valid_spec in Ev.
  assert (List.filter (of_signal s) (List.filter (fun e => negb (of_signal s e)) (rt_queue p)) = []) as Hn.
  { rewrite filter_filter. induction (rt_queue p) as [|x l IH]; [done|]. simpl. by destruct (of_signal s x). }
  assert (forall s', s' <> s -> List.filter (of_signal s') (List.filter (fun e => negb (of_signal s e)) (rt_queue p))
    = instances p s') as Ho.
  { intros s' Hne. rewrite filter_filter. apply filter_ext_in. unfold of_signal. intros x _.
    destruct (Z.eqb_spec (signum x) s'), (Z.eqb_spec (signum x) s); simpl; congruence || done. }
  split; [|done].
  assert (mkPending (Z.ldiff (pending p) (sig_bit s)) (List.filter (fun e => negb (of_signal s e)) (rt_queue p))
    = clear_if_gone (mkPending (pending p) (List.filter (fun e => negb (of_signal s e)) (rt_queue p))) s) as ->.
  { unfold clear_if_gone. simpl. rewrite existsb_filter, Hn. done. }
  apply clear_if_gone_ok; [done|done| |done| |].
  - intros e. rewrite List.filter_In. tauto.
  - intros s'. rewrite filter_filter. clear. induction (rt_queue p) as [|x l IH]; [done|]. simpl.
    destruct (coalesces s' x), (of_signal s x); simpl; lia.
  - by rewrite Hn.
Qed.

Lemma remove_timer_ok p id : pending_ok p -> pending_ok (fst (remove_timer_info p id)).
Proof.
  intros Hp. unfold remove_timer_info. destruct (List.find _ _) as [e|] eqn:E; [|done]. simpl.
  apply find_some in E as [He Ht]. unfold of_timer in Ht. to_prop.
  apply clear_if_gone_ok; [done|by apply (po_valid p Hp)| | | |].
  - intros x. rewrite List.filter_In. tauto.
  - intros s' Hne. rewrite filter_filter. apply filter_ext_in. intros x Hx. unfold of_signal, of_timer.
    case_bool_decide as Hxt; simpl; [|apply andb_true_r].
    rewrite (po_timer p Hp x e id Hx He Hxt Ht). rewrite (proj2 (Z.eqb_neq _ _)) by congruence. done.
  - intros s'. rewrite filter_filter. clear. induction (rt_queue p) as [|x l IH]; [done|]. simpl.
    destruct (coalesces s' x), (of_timer id x); simpl; lia.
  - unfold instances. intros Hn E0. apply Hn. rewrite filter_filter. revert E0. clear.
    induction (rt_queue p) as [|x l IH]; [done|]. simpl. by destruct (of_signal (signum e) x).
Qed.

Lemma instances_snoc b q e s : instances (mkPending b (q ++ [e])) s
  = List.filter (of_signal s) q ++ (if signum e =? s then [e] else []).
Proof. unfold instances. simpl. rewrite List.filter_app. simpl. unfold of_signal at 2. by destruct (_ =? _). Qed.

Lemma enqueue_timer_ok p s v id : pending_ok p -> valid s ->
  (forall e, In e (rt_queue p) -> timer_id e = Some id -> signum e = s) -> pending_ok (enqueue_timer p s v id).
Proof.
  intros [P1 P2 P3 P4 P5] Hs Hid. unfold enqueue_timer.
  assert ((s <? SIGRTMIN) && negb (Z.land (pending p) (sig_bit s) =? 0) && negb (existsb (of_signal s) (rt_queue p)) = false) as ->.
  { rewrite land_sig_bit, negb_involutive, P2, existsb_filter by done. unfold instances.
    destruct (s <? SIGRTMIN), (bool_decide _); done. }
  split; simpl.
  - by apply mask64_lor.
  - intros s' Hs'. rewrite lor_sig_bit, instances_snoc by done. simpl.
    destruct (Z.eqb_spec (s' - 1) (s - 1)) as [E|E].
    + rewrite orb_true_r, bool_decide_eq_false_2; [done|]. rewrite (proj2 (Z.eqb_eq s s')) by lia.
      by intros [_ ?]%app_eq_nil.
    + rewrite orb_false_r, P2 by done. unfold instances. f_equal. apply bool_decide_ext.
      rewrite (proj2 (Z.eqb_neq s s')) by congruence. by rewrite app_nil_r.
  - intros e [He|[<-|[]]]%in_app_iff; [by apply P3|done].
  - intros s' Hlt. rewrite List.filter_app, length_app. simpl. unfold coalesces at 2. simpl. rewrite andb_false_r. simpl.
    specialize (P4 s' Hlt). lia.
  - intros e1 e2 id'. rewrite !in_app_iff. simpl. intros [H1|[<-|[]]] [H2|[<-|[]]] T1 T2; simpl in *; simplify_eq; try done.
    + by eapply P5.
    + by apply Hid.
    + symmetry. by apply Hid.
Qed.

(** ** The state of a process *)

Record wf (st : SignalState) : Prop := {
  wf_pending : pending_ok (shared_pending st);
  wf_actions : length (actions st) = 65%nat;
  wf_kill : get_handler st SIGKILL = Default /\ get_handler st SIGSTOP = Default;
}.

(** One operation; a timer always carries one signal number. The blocked mask
    is a public field that [sigprocmask] assigns. *)
Inductive step : SignalState -> SignalState -> Prop :=
  | st_action st s a : in_u32 s -> step st (fst (set_action st s a))
  | st_handler st s h : in_u32 s -> step st (fst (set_handler st s h))
  | st_exec st : step st (reset_dispositions_for_exec st)
  | st_raise st s v c pid uid : in_u32 s -> step st (fst (raise_internal st s v c pid uid))
  | st_timer st s v id : in_u32 s ->
      (forall e, In e (rt_queue (shared_pending st)) -> timer_id e = Some id -> signum e = s) ->
      step st (fst (raise_timer st s v id))
  | st_remove_timer st id : step st (fst (remove_timer_notification st id))
  | st_consume st s : in_u32 s -> step st (fst (consume_one st s))
  | st_clear st s : in_u32 s -> step st (clear_pending st s)
  | st_dequeue st : step st (fst (dequeue st))
  | st_mask st m : step st (mkSignals (readiness_generation st) (actions st) m (shared_pending st)).

Lemma wf_initial : wf new.
Proof. split; [apply no_pending_ok|done|done]. Qed.

Lemma with_action_wf st s a : wf st -> s <> SIGKILL -> s <> SIGSTOP -> in_u32 s -> wf (with_action st s a).
Proof.
  intros [H1 H2 [H3 H4]] Hk Hs Hu. split; [done|by simpl; rewrite length_insert|].
  unfold get_handler, action_at in *. simpl in *. unfold in_u32, SIGKILL, SIGSTOP in *.
  rewrite !nth_lookup in *. rewrite !list_lookup_insert_ne by lia. done.
Qed.

Lemma with_shared_wf st g p : wf st -> pending_ok p -> wf (with_shared st g p).
Proof. intros [H1 H2 H3] Hp. by split. Qed.

Lemma deliverable_mask st : wf st -> mask64 (deliverable st).
Proof. intros H. apply mask64_ldiff, (po_mask _ (wf_pending st H)). Qed.

Lemma consume_one_wf st s : wf st -> in_u32 s -> wf (fst (consume_one st s)).
Proof.
  intros H Hs. unfold consume_one. pose proof (consume_ok (shared_pending st) s (wf_pending st H) Hs) as Hok.
  destruct (consume_pending_info _ _). simpl in *. by apply with_shared_wf.
Qed.

Lemma set_action_wf st s a : wf st -> in_u32 s -> wf (fst (set_action st s a)).
Proof.
  intros H Hs. unfold set_action. destruct (_ || _) eqn:E; [done|]. simpl. to_prop.
  assert (wf (with_action st s a)) as H' by (by apply with_action_wf).
  destruct (should_discard_pending _ _); [|done]. apply with_shared_wf; [done|].
  by apply (clear_signal_spec (shared_pending st) s (wf_pending st H)).
Qed.

(** [set_handler] is [set_action] with the old flags and mask. *)
Lemma fst_set_handler st s h :
  fst (set_handler st s h) = fst (set_action st s (mkAction h (flags (action_at st s)) (mask (action_at st s)))).
Proof. unfold set_handler, set_action. by destruct (_ || _). Qed.

Lemma nth_reset st (s : Z) : length (actions st) = 65%nat -> valid s ->
  action_at (reset_dispositions_for_exec st) s = reset_action (action_at st s).
Proof.
  intros Hl Hs. unfold action_at. simpl. unfold valid in Hs. destruct (actions st) as [|a rest]; [done|].
  destruct (Z.to_nat s) as [|n] eqn:E; [lia|]. simpl in *.
  rewrite (nth_indep _ default_sigaction (reset_action default_sigaction)) by (rewrite length_map; lia).
  apply map_nth.
Qed.

Lemma step_wf st st' : step st st' -> wf st -> wf st'.
Proof.
  destruct 1 as [st s a Hs|st s h Hs|st|st s v c pid uid Hs|st s v id Hs Hid|st id|st s Hs|st s Hs|st|st m]; intros H.
  - by apply set_action_wf.
  - rewrite fst_set_handler. by apply set_action_wf.
  - pose proof H as [H1 H2 [H3 H4]]. split; [done| |].
    + simpl. destruct (actions st); [done|]. simpl in *. by rewrite length_map.
    + unfold get_handler in *. simpl in *. rewrite !nth_reset by (done || (unfold valid, SIGKILL, SIGSTOP; lia)).
      unfold reset_action. simpl. by rewrite H3, H4.
  - unfold raise_internal. destruct (guard_cases s Hs) as [Hv|Hg]; [|by rewrite Hg].
    rewrite guard_valid by done. destruct (should_discard_pending _ _); [done|]. simpl.
    apply with_shared_wf; [done|]. by apply enqueue_ok; [apply wf_pending|].
  - unfold raise_timer, NSIG. destruct (guard_cases s Hs) as [Hv|Hg]; [|by rewrite Hg].
    rewrite guard_valid by done. simpl. apply with_shared_wf; [done|]. by apply enqueue_timer_ok; [apply wf_pending|..].
  - unfold remove_timer_notification. pose proof (remove_timer_ok _ id (wf_pending st H)).
    destruct (remove_timer_info _ _). by apply with_shared_wf.
  - by apply consume_one_wf.
  - apply with_shared_wf; [done|]. by apply (clear_signal_spec (shared_pending st) s (wf_pending st H)).
  - unfold dequeue. destruct (Z.eqb_spec (deliverable st) 0) as [|Hd]; [done|].
    destruct (trailing_zeros_spec _ (deliverable_mask st H) Hd) as (Hr & _).
    pose proof (consume_one_wf st (trailing_zeros (deliverable st) + 1) H ltac:(unfold in_u32; lia)) as Hw.
    by destruct (consume_one _ _).
  - destruct H as [H1 H2 H3]. by split.
Qed.

Lemma reachable_signals_wf st : rtc step new st -> wf st.
Proof.
  intros H. pose proof wf_initial as H0. induction H as [st|a b c Hs _ IH]; [done|].
  apply IH. by eapply step_wf.
Qed.

Definition shared_instances (st : SignalState) (s : Z) : list RtSigEntry := instances (shared_pending st) s.

Lemma is_pending_spec st s : wf st -> valid s -> is_pending st s = true <-> shared_instances st s <> [].
Proof.
  intros H Hs. unfold is_pending. rewrite (proj2 (Z.leb_gt 65 s)) by (unfold valid in Hs; lia).
  rewrite land_sig_bit, negb_involutive by done. rewrite (po_bit _ (wf_pending st H) s Hs).
  by rewrite negb_true_iff, bool_decide_eq_false.
Qed.

(** ** Properties *)

(** Pending signals. In every reachable state a signal is pending
    exactly when at least one instance of it is queued; every queued instance
    has a valid number; a standard signal has at most one instance that is not
    a timer notification; and SIGKILL and SIGSTOP have their default
    disposition, whatever [sigaction] calls were made. *)
Theorem pending_signals_exact st : rtc step new st ->
  (forall s, valid s -> is_pending st s = true <-> shared_instances st s <> [])
  /\ (forall e, In e (rt_queue (shared_pending st)) -> valid (signum e))
  /\ (forall s, s < SIGRTMIN -> (length (List.filter (coalesces s) (rt_queue (shared_pending st))) <= 1)%nat)
  /\ get_handler st SIGKILL = Default /\ get_handler st SIGSTOP = Default.
Proof.
  intros H%reachable_signals_wf. split_and!.
  - intros s Hs. by apply is_pending_spec.
  - apply (po_valid _ (wf_pending st H)).
  - apply (po_coalesced _ (wf_pending st H)).
  - apply (wf_kill st H).
  - apply (wf_kill st H).
Qed.

Definition witness_state : SignalState :=
  fst (raise_with_value (fst (raise_with_value (fst (raise (fst (raise new 15)) 15)) 40 7)) 40 8).

Lemma witness_state_reachable : rtc step new witness_state.
Proof.
  eapply rtc_l; [apply (st_raise _ 15 0 0 0 0); unfold in_u32; lia|].
  eapply rtc_l; [apply (st_raise _ 15 0 0 0 0); unfold in_u32; lia|].
  eapply rtc_l; [apply (st_raise _ 40 7 (-1) 0 0); unfold in_u32; lia|].
  eapply rtc_l; [apply (st_raise _ 40 8 (-1) 0 0); unfold in_u32; lia|]. apply rtc_refl.
Qed.

Lemma pending_signals_exact_witness :
  is_pending witness_state 15 = true <-> shared_instances witness_state 15 <> [].
Proof. apply (proj1 (pending_signals_exact witness_state witness_state_reachable)). unfold valid. lia. Defined.

(** Raising a signal several times, and consuming it several times. *)
Definition raise_values (st : SignalState) (s : Z) (vs : list Z) : SignalState :=
  fold_left (fun st v => fst (raise_with_value st s v)) vs st.
Fixpoint consume_n (n : nat) (st : SignalState) (s : Z) : SignalState * list PendingSignalInfo :=
  match n with
  | O => (st, [])
  | S n' => let '(st', i) := consume_one st s in let '(st'', infos) := consume_n n' st' s in (st'', i :: infos)
  end.

Lemma raise_rt_instances st s v : valid s -> SIGRTMIN <= s -> should_discard_pending s (handler (action_at st s)) = false ->
  let st' := fst (raise_with_value st s v) in
  shared_instances st' s = shared_instances st s ++ [mkEntry s v (-1) 0 0 None] /\ actions st' = actions st.
Proof.
  intros Hs Hr Hd. unfold raise_with_value, raise_internal. rewrite guard_valid, Hd by done. simpl. split; [|done].
  unfold shared_instances, instances. simpl. rewrite (proj2 (Z.leb_le SIGRTMIN s)) by done.
  rewrite List.filter_app. simpl. unfold of_signal at 2. simpl. by rewrite Z.eqb_refl.
Qed.

Lemma raise_values_instances st s vs : valid s -> SIGRTMIN <= s ->
  should_discard_pending s (handler (action_at st s)) = false ->
  shared_instances (raise_values st s vs) s
  = shared_instances st s ++ map (fun v => mkEntry s v (-1) 0 0 None) vs.
Proof.
  intros Hs Hr. revert st. induction vs as [|v vs IH]; intros st Hd; simpl; [by rewrite app_nil_r|].
  destruct (raise_rt_instances st s v Hs Hr Hd) as [E Ea]. simpl in *. rewrite IH.
  - by rewrite E, <- app_assoc.
  - unfold action_at in *. by rewrite Ea.
Qed.

Lemma consume_n_instances st s l1 l2 : valid s -> shared_instances st s = l1 ++ l2 ->
  let '(st', infos) := consume_n (length l1) st s in
  infos = map info_of l1 /\ shared_instances st' s = l2.
Proof.
  intros Hs. revert st. induction l1 as [|e l1 IH]; intros st Hi; simpl in *; [done|].
  unfold consume_one. pose proof (consume_instances (shared_pending st) s Hs) as Hc.
  destruct (consume_pending_info (shared_pending st) s) as [p info]. destruct Hc as (C1 & C2 & _).
  unfold shared_instances in Hi. rewrite Hi in C1, C2. simpl in *.
  specialize (IH (with_shared st (readiness_generation st) p) C1).
  destruct (consume_n _ _ _) as [st' infos]. destruct IH as [-> E]. split; [by rewrite C2|done].
Qed.

(** Real-time signals queue. A real-time signal that is not ignored is
    queued once per raise and its instances are consumed in the order they
    were raised, each with its own value, behind those already queued. *)
Theorem rt_signals_fifo st s vs : valid s -> SIGRTMIN <= s ->
  should_discard_pending s (handler (action_at st s)) = false ->
  let old := shared_instances st s in
  snd (consume_n (length old + length vs) (raise_values st s vs) s)
  = map info_of old ++ map (fun v => mkInfo v (-1) 0 0 None) vs.
Proof.
  intros Hs Hr Hd old. pose proof (raise_values_instances st s vs Hs Hr Hd) as E. fold old in E.
  pose proof (consume_n_instances (raise_values st s vs) s
    (old ++ map (fun v => mkEntry s v (-1) 0 0 None) vs) [] Hs) as Hc.
  rewrite app_nil_r in Hc. specialize (Hc E). rewrite length_app, length_map in Hc.
  destruct (consume_n _ _ _) as [st' infos]. destruct Hc as [-> _]. simpl. by rewrite map_app, map_map.
Qed.

Lemma rt_signals_fifo_witness :
  snd (consume_n 2 (raise_values new 40 [7; 8]) 40) = [mkInfo 7 (-1) 0 0 None; mkInfo 8 (-1) 0 0 None].
Proof. apply (rt_signals_fifo new 40 [7; 8]); [unfold valid; lia|unfold SIGRTMIN; lia|reflexivity]. Defined.

(** Delivery order. In every reachable state [dequeue] takes the
    lowest-numbered signal that is pending and not blocked, with the metadata
    of its oldest instance, and removes exactly that instance; when every
    pending signal is blocked it takes nothing. *)
Theorem dequeue_lowest_unblocked st : rtc step new st ->
  match dequeue st with
  | (st', Some (s, v, c)) => valid s /\ is_pending st s = true /\ is_blocked st s = false
      /\ (forall s', valid s' -> s' < s -> is_pending st s' = true -> is_blocked st s' = true)
      /\ peek_deliverable st = Some s
      /\ (exists e rest, shared_instances st s = e :: rest /\ v = si_value_bits e /\ c = si_code e
          /\ shared_instances st' s = rest)
      /\ (forall s', s' <> s -> shared_instances st' s' = shared_instances st s')
  | (st', None) => st' = st /\ forall s, valid s -> is_pending st s = true -> is_blocked st s = true
  end.
Proof.
  intros H%reachable_signals_wf.
  assert (forall s, valid s -> is_pending st s = Z.testbit (pending (shared_pending st)) (s - 1)) as Hp.
  { intros s Hs. unfold is_pending. rewrite (proj2 (Z.leb_gt 65 s)) by (unfold valid in Hs; lia).
    by rewrite land_sig_bit, negb_involutive. }
  assert (forall s, valid s -> is_blocked st s = Z.testbit (blocked st) (s - 1)) as Hb.
  { intros s Hs. unfold is_blocked. rewrite (proj2 (Z.leb_gt 65 s)) by (unfold valid in Hs; lia).
    by rewrite land_sig_bit, negb_involutive. }
  assert (forall s, valid s -> Z.testbit (deliverable st) (s - 1) = is_pending st s && negb (is_blocked st s)) as Hd.
  { intros s Hs. unfold deliverable. by rewrite Z.ldiff_spec, Hp, Hb. }
  unfold dequeue, peek_deliverable. destruct (Z.eqb_spec (deliverable st) 0) as [E|E].
  - split; [done|]. intros s Hs Hps. specialize (Hd s Hs). rewrite E, Z.testbit_0_l, Hps in Hd.
    by destruct (is_blocked st s).
  - destruct (trailing_zeros_spec _ (deliverable_mask st H) E) as (Hr & Hbit & Hlow).
    set (s := trailing_zeros (deliverable st) + 1) in *.
    assert (valid s) as Hs by (unfold valid, s; lia).
    replace (trailing_zeros (deliverable st)) with (s - 1) in Hbit, Hlow by (unfold s; lia).
    rewrite Hd in Hbit by done. to_prop. unfold consume_one.
    pose proof (consume_instances (shared_pending st) s Hs) as Hc.
    destruct (consume_pending_info (shared_pending st) s) as [p info]. destruct Hc as (C1 & C2 & C3).
    split_and!; [done|done|done| | | |done].
    + intros s' Hs' Hlt Hps. specialize (Hlow (s' - 1) ltac:(unfold valid in *; lia)).
      rewrite Hd, Hps in Hlow by done. by destruct (is_blocked st s').
    + rewrite (proj2 (Z.leb_gt 65 s)) by (unfold valid in Hs; lia). done.
    + pose proof (proj1 (is_pending_spec st s H Hs) ltac:(done)) as Hne. unfold shared_instances in *.
      destruct (instances (shared_pending st) s) as [|e rest]; [done|]. exists e, rest. subst info. done.
Qed.

Lemma dequeue_lowest_unblocked_witness :
  exists st' v c, dequeue witness_state = (st', Some (15, v, c)) /\ is_blocked witness_state 15 = false.
Proof.
  pose proof (dequeue_lowest_unblocked witness_state witness_state_reachable) as H.
  destruct (dequeue witness_state) as [st' [[[s v] c]|]] eqn:E; [|vm_compute in E; discriminate].
  assert (s = 15) as -> by (vm_compute in E; congruence). exists st', v, c. split; [reflexivity|]. apply H.
Defined.

(** Ignored signals are discarded. When [sigaction] makes a signal
    ignored (SIG_IGN, or SIG_DFL where the default is to ignore), its pending
    instances are discarded and no other signal's are; later raises of it
    report success and queue nothing (only a timer expiry is still queued).
    SIGKILL,
    SIGSTOP and invalid numbers are refused and nothing changes. *)
Theorem ignored_signals_discarded st s a : wf st -> in_u32 s ->
  let '(st', r) := set_action st s a in
  (r = None <-> ~ valid s \/ s = SIGKILL \/ s = SIGSTOP) /\ (r = None -> st' = st)
  /\ (r <> None -> get_action st' s = a /\ r = Some (get_action st s)
      /\ (forall s', s' <> s -> valid s' -> get_action st' s' = get_action st s'
            /\ shared_instances st' s' = shared_instances st s')
      /\ (should_discard_pending s (handler a) = true -> is_pending st' s = false
          /\ forall v c pid uid, raise_internal st' s v c pid uid = (st', true))
      /\ (should_discard_pending s (handler a) = false -> shared_instances st' s = shared_instances st s)).
Proof.
  intros H Hs. pose proof (set_action_wf st s a H Hs) as Hwf. unfold set_action in *.
  destruct (guard_cases s Hs) as [Hv|Hg].
  2:{ rewrite Hg. simpl. split_and!; try done. split; [|done]. intros _. left. intros Hv.
      rewrite guard_valid in Hg by done. done. }
  rewrite guard_valid in * by done. simpl in *.
  destruct ((s =? SIGKILL) || (s =? SIGSTOP)) eqn:E.
  { split_and!; try done. split; [|done]. intros _. right. by to_prop; destruct E as [E|E]; to_prop; auto. }
  to_prop. split_and!; [|done|].
  { split; [done|]. intros [Hn|[?|?]]; done. }
  intros _. set (st' := if should_discard_pending s (handler a) then _ else _) in *.
  assert (actions st' = <[Z.to_nat s := a]> (actions st)) as Ha by (unfold st'; by destruct (should_discard_pending _ _)).
  pose proof (wf_actions st H) as Hl. unfold valid in Hv.
  assert (action_at st' s = a) as Has.
  { unfold action_at. rewrite Ha, nth_lookup, list_lookup_insert_eq by lia. done. }
  destruct (clear_signal_spec (shared_pending st) s (wf_pending st H) Hs) as (_ & Hcs & Hco).
  unfold get_action. rewrite guard_valid by done. split_and!; [done|done| | |].
  - intros s' Hne Hv'. rewrite guard_valid by done. split.
    + unfold action_at. rewrite Ha, !nth_lookup, list_lookup_insert_ne by (unfold valid in *; lia). done.
    + unfold st', shared_instances. destruct (should_discard_pending _ _); [|done]. by apply Hco.
  - intros Hd. unfold st' in *. rewrite Hd in *. split.
    + apply not_true_iff_false. rewrite is_pending_spec by done. intros Hne. apply Hne. by apply Hcs.
    + intros v c pid uid. unfold raise_internal. rewrite guard_valid by done. rewrite Has. by rewrite Hd.
  - intros Hd. unfold st'. by rewrite Hd.
Qed.

Lemma ignored_signals_discarded_witness :
  is_pending (fst (set_action witness_state 15 (mkAction Ignore 0 0))) 15 = false.
Proof.
  assert (wf witness_state) as H by (apply reachable_signals_wf, witness_state_reachable).
  pose proof (ignored_signals_discarded witness_state 15 (mkAction Ignore 0 0) H ltac:(unfold in_u32; lia)) as Ht.
  destruct (set_action witness_state 15 (mkAction Ignore 0 0)) as [st' r] eqn:E.
  assert (r <> None) as Hr by (vm_compute in E; congruence). apply Ht; [done|reflexivity].
Defined.

(** Exec. Resetting the dispositions keeps ignored signals ignored, makes
    every other one default with no flags and no mask, and keeps the blocked
    mask and every pending instance. *)
Theorem exec_keeps_pending st : wf st ->
  let st' := reset_dispositions_for_exec st in
  wf st' /\ blocked st' = blocked st /\ shared_pending st' = shared_pending st
  /\ forall s, valid s -> get_action st' s
       = mkAction (match get_handler st s with Ignore => Ignore | _ => Default end) 0 0.
Proof.
  intros H st'. split_and!; [by eapply (step_wf st), H; apply st_exec|done|done|].
  intros s Hs. unfold get_action, get_handler. rewrite guard_valid by done.
  unfold st'. by rewrite nth_reset by (done || apply (wf_actions st H)).
Qed.

Lemma exec_keeps_pending_witness :
  shared_pending (reset_dispositions_for_exec witness_state) = shared_pending witness_state.
Proof. apply (exec_keeps_pending witness_state), reachable_signals_wf, witness_state_reachable. Defined.

(** Directed signals. On a thread whose pending instances are exact,
    [dequeue] delivers the lowest directed signal the thread does not block
    and keeps the instances exact; with none it changes nothing, and a blocked
    signal is never delivered. *)
Theorem thread_dequeue_lowest t : pending_ok (thread_pending t) ->
  match thread_dequeue t with
  | (t', Some (s, v, c)) => valid s /\ thread_is_pending t s = true /\ thread_is_blocked t s = false
      /\ (forall s', valid s' -> s' < s -> thread_is_pending t s' = true -> thread_is_blocked t s' = true)
      /\ pending_ok (thread_pending t')
      /\ instances (thread_pending t') s = tail (instances (thread_pending t) s)
  | (t', None) => t' = t /\ forall s, valid s -> thread_is_pending t s = true -> thread_is_blocked t s = true
  end.
Proof.
  intros H.
  assert (forall s, valid s -> thread_is_pending t s = Z.testbit (pending (thread_pending t)) (s - 1)) as Hp.
  { intros s Hs. unfold thread_is_pending. rewrite (proj2 (is_valid_spec s) Hs). simpl.
    by rewrite land_sig_bit, negb_involutive. }
  assert (forall s, valid s -> thread_is_blocked t s = Z.testbit (thread_blocked t) (s - 1)) as Hb.
  { intros s Hs. unfold thread_is_blocked, NSIG. rewrite (proj2 (Z.leb_gt 65 s)) by (unfold valid in Hs; lia).
    by rewrite land_sig_bit, negb_involutive. }
  set (d := Z.ldiff (pending (thread_pending t)) (thread_blocked t)).
  assert (forall s, valid s -> Z.testbit d (s - 1) = thread_is_pending t s && negb (thread_is_blocked t s)) as Hd.
  { intros s Hs. unfold d. by rewrite Z.ldiff_spec, Hp, Hb. }
  unfold thread_dequeue. fold d. destruct (Z.eqb_spec d 0) as [E|E].
  - split; [done|]. intros s Hs Hps. specialize (Hd s Hs). rewrite E, Z.testbit_0_l, Hps in Hd.
    by destruct (thread_is_blocked t s).
  - destruct (trailing_zeros_spec d (mask64_ldiff _ _ (po_mask _ H)) E) as (Hr & Hbit & Hlow).
    set (s := trailing_zeros d + 1) in *.
    assert (valid s) as Hs by (unfold valid, s; lia).
    replace (trailing_zeros d) with (s - 1) in Hbit, Hlow by (unfold s; lia).
    rewrite Hd in Hbit by done. to_prop. unfold NSIG. rewrite (proj2 (Z.leb_gt 65 s)) by (unfold valid in Hs; lia).
    unfold thread_consume_one, NSIG. rewrite guard_valid, land_sig_bit, <- Hp by done.
    match goal with H1 : thread_is_pending t s = true |- _ => rewrite H1 end. simpl. unfold thread_consume_one_info.
    pose proof (consume_instances (thread_pending t) s Hs) as Hc.
    pose proof (consume_ok (thread_pending t) s H ltac:(unfold in_u32, valid in *; lia)) as Hok.
    destruct (consume_pending_info (thread_pending t) s) as [p info]. destruct Hc as (C1 & C2 & C3).
    split_and!; [done|done|done| |done|done].
    intros s' Hs' Hlt Hps. specialize (Hlow (s' - 1) ltac:(unfold valid in *; lia)).
    rewrite Hd, Hps in Hlow by done. by destruct (thread_is_blocked t s').
Qed.

Lemma thread_dequeue_lowest_witness :
  exists t' v c, thread_dequeue (fst (thread_raise_internal new_thread 12 0 0 0 0)) = (t', Some (12, v, c))
    /\ pending_ok (thread_pending t').
Proof.
  assert (pending_ok (thread_pending (fst (thread_raise_internal new_thread 12 0 0 0 0)))) as H.
  { apply (enqueue_ok no_pending 12 0 0 0 0 no_pending_ok). unfold valid. lia. }
  pose proof (thread_dequeue_lowest (fst (thread_raise_internal new_thread 12 0 0 0 0)) H) as Ht.
  destruct (thread_dequeue _) as [t' [[[s v] c]|]] eqn:E; [|vm_compute in E; discriminate].
  assert (s = 12) as -> by (vm_compute in E; congruence). exists t', v, c. split; [reflexivity|]. apply Ht.
Defined.
