(* ===== verification/WaitQueue.v ===== *)
(** * Sleeping tasks (crates/runtime-core/src/wait_queue.rs)

    The queue of parked tasks: who sleeps, on which execution generation of
    which channel, which sources can end the sleep, and until when. The map of
    sleepers is keyed by a counter that never repeats, so it is modelled by the
    list of sleepers in key order; the heap of deadlines by the sorted list of
    its entries, which may hold entries of sleepers that have left.

    Identifiers are [u64] counters; the statistics are counted without a bound.
    The pinned retry target of a sleeper belongs to another component and has
    the abstract type [T]. *)

From S2P Require Import Prelude.

(** blocked_retry.rs. *)
Inductive BlockingRetryOperation : Type :=
  | OpRead | OpWrite | OpFcntl | OpPread | OpPwrite | OpAccept | OpConnect | OpSend | OpRecv | OpSendto | OpRecvfrom
  | OpSendmsg | OpRecvmsg | OpFlock | OpSendfile | OpCopyFileRange | OpSplice | OpMqSend | OpMqReceive | OpMsgSend
  | OpMsgReceive | OpSemop.

Inductive WakeSource : Type :=
  | SrcPipe (idx : Z) | SrcAccept (idx : Z) | SrcPcmStream (idx : Z) | SrcAdvisoryLock | SrcDatagramWritable
  | SrcChildEvent (parent : Z) | SrcSignal (spid stid : Z) | SrcFutex (fpid faddr : Z)
  | SrcProcessStopped (spid : Z) | SrcProcessContinued (cpid : Z).
#[global] Instance WakeSource_eq_dec : EqDecision WakeSource.
Proof. solve_decision. Defined.

Definition is_broad (s : WakeSource) : bool := match s with SrcAdvisoryLock | SrcDatagramWritable => true | _ => false end.

Inductive WaitKind : Type :=
  | KTransfer (operation : BlockingRetryOperation) | KPoll | KSelect | KEpollWait | KSleep | KSigTimedWait (mask : Z)
  | KChildWait (options : Z) | KFutex | KAdvisoryLock | KStoppedPublication.

Record Sleeper (T : Type) : Type := mkSleeper {
  id : Z; pid : Z; tid : Z; channel : Z; kind : WaitKind; sources : list WakeSource; deadline : option Z;
  target : option T; signal_safe : bool }.
Arguments mkSleeper {T}. Arguments id {T}. Arguments pid {T}. Arguments tid {T}. Arguments channel {T}. Arguments kind {T}.
Arguments sources {T}. Arguments deadline {T}. Arguments target {T}. Arguments signal_safe {T}.

Record ParkRequest (T : Type) : Type := mkRequest {
  q_pid : Z; q_tid : Z; q_channel : Z; q_kind : WaitKind; q_sources : list WakeSource; q_deadline : option Z;
  q_target : option T; q_signal_safe : bool }.
Arguments mkRequest {T}. Arguments q_pid {T}. Arguments q_tid {T}. Arguments q_channel {T}. Arguments q_kind {T}.
Arguments q_sources {T}. Arguments q_deadline {T}. Arguments q_target {T}. Arguments q_signal_safe {T}.

Inductive WakeReason : Type := BySource (s : WakeSource) | ByDeadline | Interrupted | Retired.

Record Wakeup (T : Type) : Type := mkWakeup {
  w_id : Z; w_pid : Z; w_tid : Z; w_channel : Z; w_kind : WaitKind; w_reason : WakeReason; w_target : option T }.
Arguments mkWakeup {T}. Arguments w_id {T}. Arguments w_pid {T}. Arguments w_tid {T}. Arguments w_channel {T}.
Arguments w_kind {T}. Arguments w_reason {T}. Arguments w_target {T}.

Record WaitQueueStats : Type := mkStats {
  n_parked : Z; n_by_source : Z; n_by_deadline : Z; n_broad : Z; n_expired_with_sources : Z; n_retired : Z; n_cancelled : Z }.

Record WaitQueue (T : Type) : Type := mkQueue {
  enabled : bool; next_waiter : Z; next_generation : Z;
  sleepers : list (Sleeper T);
  deadlines : list (Z * Z);
  live_channels : gset Z;
  stats : WaitQueueStats }.
Arguments mkQueue {T}. Arguments enabled {T}. Arguments next_waiter {T}. Arguments next_generation {T}.
Arguments sleepers {T}. Arguments deadlines {T}. Arguments live_channels {T}. Arguments stats {T}.

Section Methods.
Context {T : Type}.
Implicit Types (q : WaitQueue T) (s : Sleeper T) (l : list (Sleeper T)).

Definition new : WaitQueue T := mkQueue false 1 1 [] [] ∅ (mkStats 0 0 0 0 0 0 0).

Definition set_sleepers q l : WaitQueue T :=
  mkQueue (enabled q) (next_waiter q) (next_generation q) l (deadlines q) (live_channels q) (stats q).
Definition set_deadlines q h : WaitQueue T :=
  mkQueue (enabled q) (next_waiter q) (next_generation q) (sleepers q) h (live_channels q) (stats q).
Definition set_live q (live : gset Z) : WaitQueue T :=
  mkQueue (enabled q) (next_waiter q) (next_generation q) (sleepers q) (deadlines q) live (stats q).
Definition set_stats q st : WaitQueue T :=
  mkQueue (enabled q) (next_waiter q) (next_generation q) (sleepers q) (deadlines q) (live_channels q) st.
Definition set_enabled (b : bool) q : WaitQueue T :=
  mkQueue b (next_waiter q) (next_generation q) (sleepers q) (deadlines q) (live_channels q) (stats q).

(** Counting one event. *)
Definition bump (parked by_source by_deadline broad with_sources retired cancelled : Z) (st : WaitQueueStats) : WaitQueueStats :=
  mkStats (n_parked st + parked) (n_by_source st + by_source) (n_by_deadline st + by_deadline) (n_broad st + broad)
    (n_expired_with_sources st + with_sources) (n_retired st + retired) (n_cancelled st + cancelled).
Definition one_cancelled : WaitQueueStats -> WaitQueueStats := bump 0 0 0 0 0 0 1.
Definition one_retired : WaitQueueStats -> WaitQueueStats := bump 0 0 0 0 0 1 0.
Definition one_woken (source : WakeSource) : WaitQueueStats -> WaitQueueStats :=
  if is_broad source then bump 0 0 0 1 0 0 0 else bump 0 1 0 0 0 0 0.

(** The map of sleepers. *)
Definition bt_get (i : Z) l : option (Sleeper T) := List.find (fun s => id s =? i) l.
Definition bt_remove (i : Z) l : list (Sleeper T) := List.filter (fun s => negb (id s =? i)) l.
Fixpoint bt_insert s l : list (Sleeper T) :=
  match l with
  | [] => [s]
  | x :: l' => if id x <? id s then x :: bt_insert s l' else if id x =? id s then s :: l' else s :: l
  end.

(** The heap of deadlines. *)
Definition entry_lt (x y : Z * Z) : bool := (fst x <? fst y) || (fst x =? fst y) && (snd x <? snd y).
Fixpoint heap_push (x : Z * Z) (h : list (Z * Z)) : list (Z * Z) :=
  match h with
  | [] => [x]
  | y :: h' => if entry_lt y x then y :: heap_push x h' else x :: h
  end.

Definition matches s (source : WakeSource) : bool := existsb (fun x => bool_decide (x = source)) (sources s).
Definition into_wakeup s (reason : WakeReason) : Wakeup T :=
  mkWakeup (id s) (pid s) (tid s) (channel s) (kind s) reason (target s).

(** ** Channels *)

Definition open_channel : op (WaitQueue T) Z := fun q =>
  match checked_add u64_max (next_generation q) 1 with
  | None => None
  | Some next =>
      Some (mkQueue (enabled q) (next_waiter q) next (sleepers q) (deadlines q)
              ({[next_generation q]} ∪ live_channels q) (stats q), Ok (next_generation q))
  end.
Definition is_channel_live q (c : Z) : bool := bool_decide (c ∈ live_channels q).
Definition release_channel (c : Z) q : WaitQueue T := set_live q (live_channels q ∖ {[c]}).

(** ** Parking *)

Definition park (r : ParkRequest T) q : WaitQueue T * result Z :=
  if negb (is_channel_live q (q_channel r)) then (q, Err ESRCH)
  else if i64_max <? next_waiter q then (q, Err EOVERFLOW)
  else
    let i := next_waiter q in
    let s := mkSleeper i (q_pid r) (q_tid r) (q_channel r) (q_kind r) (q_sources r) (q_deadline r) (q_target r) (q_signal_safe r) in
    (mkQueue (enabled q) (i + 1) (next_generation q) (bt_insert s (sleepers q))
       (match q_deadline r with Some d => heap_push (d, i) (deadlines q) | None => deadlines q end)
       (live_channels q) (bump 1 0 0 0 0 0 0 (stats q)), Ok i).

(** ** Deadlines *)

(** Whether the entry is that of a sleeper in the queue. *)
Definition current l (e : Z * Z) : bool :=
  match bt_get (snd e) l with Some s => bool_decide (deadline s = Some (fst e)) | None => false end.

Fixpoint next_entry l (h : list (Z * Z)) : list (Z * Z) * option Z :=
  match h with
  | [] => ([], None)
  | e :: h' => if current l e then (h, Some (fst e)) else next_entry l h'
  end.
Definition next_deadline_ns q : WaitQueue T * option Z :=
  let '(h, d) := next_entry (sleepers q) (deadlines q) in (set_deadlines q h, d).

(** The loop of [expire]; [st] are the statistics, [out] the wakeups so far. *)
Fixpoint expire_loop (now : Z) (h : list (Z * Z)) l (st : WaitQueueStats) (out : list (Wakeup T))
    : list (Z * Z) * list (Sleeper T) * WaitQueueStats * list (Wakeup T) :=
  match h with
  | [] => ([], l, st, out)
  | e :: h' =>
      if now <? fst e then (h, l, st, out)
      else
        match bt_get (snd e) l with
        | None => expire_loop now h' l st out
        | Some s =>
            if negb (bool_decide (deadline s = Some (fst e))) then expire_loop now h' l st out
            else
              expire_loop now h' (bt_remove (snd e) l)
                (bump 0 0 1 0 (match sources s with [] => 0 | _ => 1 end) 0 0 st) (out ++ [into_wakeup s ByDeadline])
        end
  end.
Definition expire (now : Z) q : WaitQueue T * list (Wakeup T) :=
  let '(h, l1, st, out) := expire_loop now (deadlines q) (sleepers q) (stats q) [] in
  (set_stats (set_deadlines (set_sleepers q l1) h) st, out).

(** ** Waking *)

(** [for id in ids { if let Some(sleeper) = self.sleepers.remove(&id) { .. } }]. *)
Fixpoint remove_each (count : WaitQueueStats -> WaitQueueStats) (reason : WakeReason) (ids : list Z) q : WaitQueue T * list (Wakeup T) :=
  match ids with
  | [] => (q, [])
  | i :: ids =>
      match bt_get i (sleepers q) with
      | None => remove_each count reason ids q
      | Some s =>
          let '(q', out) := remove_each count reason ids (set_stats (set_sleepers q (bt_remove i (sleepers q))) (count (stats q))) in
          (q', into_wakeup s reason :: out)
      end
  end.

(** The first part of [wake]: the selected ids and whether one was deferred. *)
Definition admitted (source : WakeSource) (pid_filter : option Z) s : bool :=
  match pid_filter with Some p => pid s =? p | None => true end && matches s source.
Definition wake (source : WakeSource) (pid_filter : option Z) (defer_signal_safe : bool) q : WaitQueue T * (list (Wakeup T) * bool) :=
  let hit := List.filter (admitted source pid_filter) (sleepers q) in
  let deferred := existsb (fun s => defer_signal_safe && signal_safe s) hit in
  let selected := map id (List.filter (fun s => negb (defer_signal_safe && signal_safe s)) hit) in
  let '(q', woken) := remove_each (one_woken source) (BySource source) selected q in
  (q', (woken, deferred)).

Definition wake_limited (source : WakeSource) (max : nat) (accept : Sleeper T -> bool) q : WaitQueue T * list (Wakeup T) :=
  let selected := take max (map id (List.filter (fun s => matches s source && accept s) (sleepers q))) in
  remove_each (one_woken source) (BySource source) selected q.

Definition with_sources s (l : list WakeSource) : Sleeper T :=
  mkSleeper (id s) (pid s) (tid s) (channel s) (kind s) l (deadline s) (target s) (signal_safe s).
Fixpoint retarget_loop (from to : WakeSource) (max : nat) l : list (Sleeper T) * nat :=
  match l with
  | [] => ([], 0%nat)
  | s :: l' =>
      match max with
      | O => (l, 0%nat)
      | S max' =>
          if matches s from then
            let '(l'', n) := retarget_loop from to max' l' in
            (with_sources s (map (fun x => if bool_decide (x = from) then to else x) (sources s)) :: l'', S n)
          else let '(l'', n) := retarget_loop from to max l' in (s :: l'', n)
      end
  end.
Definition retarget (from to : WakeSource) (max : nat) q : WaitQueue T * nat :=
  let '(l1, n) := retarget_loop from to max (sleepers q) in (set_sleepers q l1, n).

(** ** Removal *)

Definition remove_with_reason (i : Z) (reason : WakeReason) q : WaitQueue T * option (Wakeup T) :=
  match bt_get i (sleepers q) with
  | None => (q, None)
  | Some s =>
      (set_stats (set_sleepers q (bt_remove i (sleepers q)))
         (match reason with Retired => one_retired | _ => one_cancelled end (stats q)), Some (into_wakeup s reason))
  end.

Definition cancel (i : Z) q : WaitQueue T * option (Wakeup T) :=
  match bt_get i (sleepers q) with
  | None => (q, None)
  | Some s => (set_stats (set_sleepers q (bt_remove i (sleepers q))) (one_cancelled (stats q)), Some (into_wakeup s Interrupted))
  end.

Definition cancel_task (p t : Z) q : WaitQueue T * list (Wakeup T) :=
  remove_each one_cancelled Interrupted (map id (List.filter (fun s => (pid s =? p) && (tid s =? t)) (sleepers q))) q.

Definition retire_channel (c : Z) q : WaitQueue T * list (Wakeup T) :=
  remove_each one_retired Retired (map id (List.filter (fun s => channel s =? c) (sleepers q))) (set_live q (live_channels q ∖ {[c]})).

Fixpoint retire_channels (cs : list Z) q : WaitQueue T * list (Wakeup T) :=
  match cs with
  | [] => (q, [])
  | c :: cs =>
      let '(q1, out) := retire_channel c q in
      let '(q2, more) := retire_channels cs q1 in
      (q2, out ++ more)
  end.
Definition retire_process (p : Z) q : WaitQueue T * list (Wakeup T) :=
  retire_channels (map channel (List.filter (fun s => pid s =? p) (sleepers q))) q.

(** ** Queries *)

Definition sleeper_for_channel q (c : Z) : option (Sleeper T) := List.find (fun s => channel s =? c) (sleepers q).
Definition i64_saturating_sub (a b : Z) : Z := Z.max i64_min (Z.min i64_max (a - b)).
Definition remaining_ns q (c now : Z) : result (option Z) :=
  let? found := ok_or (sleeper_for_channel q c) ESRCH in
  Ok (option_map (fun d => Z.max (i64_saturating_sub d now) 0) (deadline found)).

(** ** The deadline authority (module [global]) *)

Definition global_set_enabled (b : bool) q : WaitQueue T * result bool :=
  let previous := enabled q in
  if negb b && previous && negb (bool_decide (sleepers q = [])) then (q, Err EBUSY)
  else (set_enabled b q, Ok previous).

Definition open_deadline (p t : Z) (k : WaitKind) (now : Z) (timeout : option Z) : op (WaitQueue T) Z :=
  do! on <- op_get enabled;
  if negb on then op_err ENOSYS
  else
    do! c <- open_channel;
    do! d <- op_lift (match timeout with
                      | Some ns => match checked_add_i64 now ns with Some d => Ok (Some d) | None => Err EOVERFLOW end
                      | None => Ok None
                      end);
    fun q =>
      let '(q1, res) := park (mkRequest p t c k [] d None false) q in
      match res with
      | Ok _ => Some (q1, Ok c)
      | Err e => Some (fst (retire_channel c q1), Err e)
      end.

Definition close (c : Z) q : WaitQueue T * bool := (fst (retire_channel c q), is_channel_live q c).
End Methods.

(** ** Well-formed queues *)

Section Invariant.
Context {T : Type}.
Implicit Types (q : WaitQueue T) (s : Sleeper T) (l : list (Sleeper T)).

(** The order of the heap. *)
Definition entry_le (x y : Z * Z) : Prop := fst x < fst y \/ fst x = fst y /\ snd x <= snd y.

Record wf q : Prop := {
  wf_ids : StronglySorted Z.lt (map id (sleepers q));
  wf_range : Forall (fun s => 1 <= id s < next_waiter q) (sleepers q);
  wf_timed : Forall (fun s => forall d, deadline s = Some d -> In (d, id s) (deadlines q)) (sleepers q);
  wf_heap : StronglySorted entry_le (deadlines q);
  wf_live : Forall (fun s => channel s ∈ live_channels q) (sleepers q);
  wf_minted : forall c, c ∈ live_channels q -> 1 <= c < next_generation q;
  wf_counters : 1 <= next_waiter q <= i64_max + 1 /\ 1 <= next_generation q <= u64_max }.

Definition leaves (l : list Z) s : bool := existsb (fun i => i =? id s) l.

(** *** Lemmas on lists of sleepers *)

Lemma ids_sorted_filter (p : Sleeper T -> bool) l :
  StronglySorted Z.lt (map id l) -> StronglySorted Z.lt (map id (List.filter p l)).
Proof.
  induction l as [|s l IH]; cbn [map List.filter]; intros Hs; [constructor|].
  apply StronglySorted_inv in Hs as [Hs Hall].
  destruct (p s); cbn [map]; [constructor; [auto|] | auto].
  rewrite List.Forall_forall in *. intros x Hx. apply Hall.
  apply in_map_iff in Hx as (y & <- & Hy%filter_In). apply in_map, Hy.
Qed.

Lemma sorted_id_inj l s s' : StronglySorted Z.lt (map id l) -> In s l -> In s' l -> id s = id s' -> s = s'.
Proof.
  induction l as [|x l IH]; cbn [map]; intros Hs Hin Hin' He; [destruct Hin|].
  apply StronglySorted_inv in Hs as [Hs Hall]. rewrite List.Forall_forall in Hall.
  destruct Hin as [->|Hin], Hin' as [->|Hin']; auto.
  - pose proof (Hall _ (in_map id _ _ Hin')). lia.
  - pose proof (Hall _ (in_map id _ _ Hin)). lia.
Qed.

Lemma bt_get_in l s : StronglySorted Z.lt (map id l) -> In s l -> bt_get (id s) l = Some s.
Proof.
  intros Hs Hin. unfold bt_get. destruct (List.find _ l) as [x|] eqn:E.
  - apply find_some in E as [Hx Hb%Z.eqb_eq]. f_equal. by apply (sorted_id_inj l).
  - pose proof (find_none _ _ E _ Hin) as Hn. cbn beta in Hn. rewrite Z.eqb_refl in Hn. discriminate.
Qed.

Lemma bt_get_Some l i s : bt_get i l = Some s -> In s l /\ id s = i.
Proof. intros [H Hb%Z.eqb_eq]%find_some. auto. Qed.

Lemma bt_insert_last l s : Forall (fun x => id x < id s) l -> bt_insert s l = l ++ [s].
Proof.
  induction 1 as [|x l Hx Hl IH]; [done|]. cbn [bt_insert app].
  rewrite (proj2 (Z.ltb_lt _ _) Hx), IH. done.
Qed.

Lemma Forall_List_filter {A} (P : A -> Prop) (p : A -> bool) (l : list A) : Forall P l -> Forall P (List.filter p l).
Proof. rewrite !List.Forall_forall. intros H x [Hx _]%filter_In. auto. Qed.

Lemma filter_true {A} (p : A -> bool) (l : list A) : (forall x, In x l -> p x = true) -> List.filter p l = l.
Proof.
  induction l as [|x l IH]; intros H; [done|]. cbn [List.filter].
  rewrite (H x (or_introl eq_refl)), IH; [done|]. intros y Hy. apply H. by right.
Qed.

Lemma filter_and {A} (p r : A -> bool) (l : list A) :
  List.filter p (List.filter r l) = List.filter (fun x => r x && p x) l.
Proof.
  induction l as [|x l IH]; [done|]. cbn [List.filter]. destruct (r x); cbn [List.filter andb]; [|done].
  destruct (p x); by rewrite IH.
Qed.

Lemma leaves_filter l (p : Sleeper T -> bool) s : StronglySorted Z.lt (map id l) -> In s l ->
  leaves (map id (List.filter p l)) s = p s.
Proof.
  intros Hs Hin. unfold leaves. destruct (p s) eqn:E.
  - apply existsb_exists. exists (id s). split; [apply in_map, filter_In; auto | apply Z.eqb_refl].
  - apply not_true_iff_false. intros (i & Hi & Hb%Z.eqb_eq)%existsb_exists.
    apply in_map_iff in Hi as (x & Hx & [Hxl Hp]%filter_In).
    assert (x = s) as -> by (apply (sorted_id_inj l); auto; congruence). congruence.
Qed.

(** *** The removal loop *)

(** Removing a list of sleepers of the queue removes exactly these, counts
    each, and hands each back in the given order. *)
Lemma remove_each_spec count reason (sel : list (Sleeper T)) q : StronglySorted Z.lt (map id (sleepers q)) ->
  NoDup (map id sel) -> (forall s, In s sel -> In s (sleepers q)) ->
  remove_each count reason (map id sel) q =
    (set_stats (set_sleepers q (List.filter (fun s => negb (leaves (map id sel) s)) (sleepers q)))
       (Nat.iter (length sel) count (stats q)),
     map (fun s => into_wakeup s reason) sel).
Proof.
  revert q. induction sel as [|s sel IH]; intros q Hs Hnd Hin.
  - cbn [map remove_each length Nat.iter leaves existsb negb]. rewrite filter_true by done. by destruct q.
  - cbn [map remove_each]. rewrite (bt_get_in _ s Hs) by (apply Hin; by left).
    cbn [map] in Hnd. apply NoDup_cons in Hnd as [Hni Hnd].
    rewrite IH.
    + unfold set_stats, set_sleepers.
      cbn [sleepers stats enabled next_waiter next_generation deadlines live_channels map length].
      unfold bt_remove. rewrite filter_and, <- Nat.iter_succ_r. do 2 f_equal. apply filter_ext. intros x.
      unfold leaves. cbn [existsb]. rewrite (Z.eqb_sym (id x)). by destruct (id s =? id x), (existsb _ _).
    + cbn. by apply ids_sorted_filter.
    + done.
    + intros x Hx. cbn. apply filter_In. split; [apply Hin; by right|].
      apply negb_true_iff, Z.eqb_neq. intros He. apply Hni. apply list_elem_of_In.
      rewrite <- He. by apply in_map.
Qed.

Lemma ids_NoDup (l : list Z) : StronglySorted Z.lt l -> NoDup l.
Proof.
  induction 1 as [|x l Hs IH Hall]; constructor; auto. rewrite list_elem_of_In. intros Hin.
  rewrite List.Forall_forall in Hall. specialize (Hall _ Hin). lia.
Qed.

Lemma remove_filter_spec count reason (p : Sleeper T -> bool) q : StronglySorted Z.lt (map id (sleepers q)) ->
  remove_each count reason (map id (List.filter p (sleepers q))) q =
    (set_stats (set_sleepers q (List.filter (fun s => negb (p s)) (sleepers q)))
       (Nat.iter (length (List.filter p (sleepers q))) count (stats q)),
     map (fun s => into_wakeup s reason) (List.filter p (sleepers q))).
Proof.
  intros Hs. rewrite remove_each_spec; [|done|by apply ids_NoDup, ids_sorted_filter|by intros s [? _]%filter_In].
  do 3 f_equal. apply filter_ext_in. intros s Hin. by rewrite leaves_filter.
Qed.

(** *** The expiry loop *)

Definition due (now : Z) s : bool := match deadline s with Some d => d <=? now | None => false end.
Definition key s : Z * Z := (default 0 (deadline s), id s).
Definition timed_in (h : list (Z * Z)) l : Prop :=
  Forall (fun s => forall d, deadline s = Some d -> In (d, id s) h) l.

Lemma bt_remove_perm l s : StronglySorted Z.lt (map id l) -> In s l -> l ≡ₚ s :: bt_remove (id s) l.
Proof.
  induction l as [|x l IH]; cbn [map]; intros Hs Hin; [destruct Hin|].
  apply StronglySorted_inv in Hs as [Hs Hall]. rewrite List.Forall_forall in Hall. unfold bt_remove. cbn [List.filter].
  destruct Hin as [->|Hin].
  - rewrite Z.eqb_refl. cbn [negb]. rewrite filter_true; [done|]. intros y Hy.
    apply negb_true_iff, Z.eqb_neq. pose proof (Hall _ (in_map id _ _ Hy)). lia.
  - pose proof (Hall _ (in_map id _ _ Hin)). rewrite (proj2 (Z.eqb_neq (id x) (id s))) by lia. cbn [negb].
    rewrite Permutation_swap. constructor. by apply IH.
Qed.

Lemma filter_perm (p : Sleeper T -> bool) l l' : l ≡ₚ l' -> List.filter p l ≡ₚ List.filter p l'.
Proof.
  induction 1 as [|x l l' H IH|x y l|l1 l2 l3 _ IH1 _ IH2]; [done|..]; cbn [List.filter].
  - destruct (p x); [by constructor|done].
  - destruct (p x), (p y); try done. constructor.
  - by etrans.
Qed.

Lemma filter_split (p : Sleeper T -> bool) l :
  List.filter (fun s => negb (p s)) l ++ List.filter p l ≡ₚ l.
Proof.
  induction l as [|x l IH]; [done|]. cbn [List.filter]. destruct (p x); cbn [negb app].
  - rewrite <- Permutation_middle. by constructor.
  - by constructor.
Qed.

Lemma timed_remove e h l : timed_in (e :: h) l ->
  (forall s, In s l -> deadline s = Some (fst e) -> id s = snd e -> False) -> timed_in h l.
Proof.
  unfold timed_in. rewrite !List.Forall_forall. intros Ht Hno s Hin d Hd.
  destruct (Ht s Hin d Hd) as [->|H]; [|done]. exfalso. by apply (Hno s Hin).
Qed.

Lemma due_key now s : due now s = true -> exists d, deadline s = Some d /\ key s = (d, id s) /\ d <= now.
Proof. unfold due, key. destruct (deadline s) as [d|]; [|done]. intros H%Z.leb_le. by exists d. Qed.

Definition count_expiry (st : WaitQueueStats) s : WaitQueueStats :=
  bump 0 0 1 0 (match sources s with [] => 0 | _ => 1 end) 0 0 st.

(** What the loop leaves and returns: the sleepers that are due, in the order
    of the heap; the others stay, each timed one with its entry. *)
Definition expired now h l st (out : list (Wakeup T)) res : Prop := exists h' ds, res =
    (h', List.filter (fun s => negb (due now s)) l, fold_left count_expiry ds st,
     out ++ map (fun s => into_wakeup s ByDeadline) ds) /\
  ds ≡ₚ List.filter (due now) l /\ StronglySorted entry_le (map key ds) /\ StronglySorted entry_le h' /\
  timed_in h' (List.filter (fun s => negb (due now s)) l) /\ (forall s, In s ds -> In (key s) h).

Lemma expired_none now h l st out : StronglySorted entry_le h -> timed_in h l ->
  (forall s, In s l -> due now s = false) -> expired now h l st out (h, l, st, out).
Proof.
  intros Hh Ht Hn. exists h, []. cbn [map fold_left]. rewrite app_nil_r.
  rewrite (filter_true (fun s => negb (due now s))) by (intros s Hs; by rewrite Hn).
  split; [done|]. split; [|split; [constructor|]; split; [done|]; split; [done|]; intros s []].
  by rewrite filter_none.
Qed.

Lemma expired_stale now e h l st out res : expired now h l st out res -> expired now (e :: h) l st out res.
Proof.
  intros (h' & ds & E & Hp & Hs & Hh & Ht & Hin). exists h', ds. repeat split; auto. intros s Hds. right. auto.
Qed.

Lemma expired_hit now e h l st out res s : StronglySorted Z.lt (map id l) -> Forall (entry_le e) h ->
  In s l -> due now s = true -> key s = e ->
  expired now h (bt_remove (id s) l) (count_expiry st s) (out ++ [into_wakeup s ByDeadline]) res ->
  expired now (e :: h) l st out res.
Proof.
  intros Hl Hall Hin Hd Hk (h' & ds & -> & Hp & Hs & Hh & Ht & Hds).
  assert (Hf : List.filter (fun x => negb (due now x)) (bt_remove (id s) l) = List.filter (fun x => negb (due now x)) l).
  { unfold bt_remove. rewrite filter_and. apply filter_ext_in. intros x Hx.
    destruct (Z.eqb_spec (id x) (id s)) as [He|He]; [|done].
    assert (x = s) as -> by by apply (sorted_id_inj l). by rewrite Hd. }
  exists h', (s :: ds). cbn [map fold_left]. rewrite Hf in *. rewrite <- app_assoc. cbn [app].
  repeat match goal with |- _ /\ _ => split end; auto.
  - rewrite Hp. rewrite (filter_perm _ _ _ (bt_remove_perm l s Hl Hin)). cbn [List.filter]. by rewrite Hd.
  - constructor; [done|]. rewrite Hk. rewrite List.Forall_forall in *. intros x Hx.
    apply in_map_iff in Hx as (y & <- & Hy). auto.
  - intros x [<-|Hx]; [by left | right; auto].
Qed.

Lemma expire_loop_spec now h l st out : StronglySorted entry_le h -> StronglySorted Z.lt (map id l) -> timed_in h l ->
  expired now h l st out (expire_loop now h l st out).
Proof.
  revert l st out. induction h as [|e h IH]; intros l st out Hh Hl Ht; cbn [expire_loop].
  - apply expired_none; auto. intros s Hin. destruct (due now s) eqn:E; [|done].
    apply due_key in E as (d & Hd & _). destruct (proj1 (List.Forall_forall _ _) Ht s Hin d Hd).
  - apply StronglySorted_inv in Hh as Hh'. destruct Hh' as [Hh1 Hhall].
    destruct (Z.ltb_spec now (fst e)) as [Hlt|Hge].
    + apply expired_none; auto. intros s Hin. destruct (due now s) eqn:E; [|done].
      apply due_key in E as (d & Hd & _ & Hle).
      destruct (proj1 (List.Forall_forall _ _) Ht s Hin d Hd) as [->|Hin']; [cbn in Hlt; lia|].
      pose proof (proj1 (List.Forall_forall _ _) Hhall _ Hin') as Hle'. unfold entry_le in Hle'. cbn in Hle'. lia.
    + assert (Hstale : (forall s, In s l -> deadline s = Some (fst e) -> id s = snd e -> False) ->
        expired now (e :: h) l st out (expire_loop now h l st out)).
      { intros Hno. apply expired_stale, IH; auto. by eapply timed_remove. }
      destruct (bt_get (snd e) l) as [s|] eqn:Eg.
      * apply bt_get_Some in Eg as [Hin Hid]. case_bool_decide as Hd; cbn [negb].
        { assert (key s = e) as Hk by (destruct e; unfold key; rewrite Hd; cbn in *; congruence).
          apply (expired_hit now e h l st out _ s); auto; [unfold due; rewrite Hd; by apply Z.leb_le|].
          rewrite <- Hid. apply IH; auto; [by apply ids_sorted_filter|].
          apply (timed_remove e); [by apply Forall_List_filter|].
          intros x [_ Hx]%filter_In _ He. rewrite He, Hid, Z.eqb_refl in Hx. done. }
        apply Hstale. intros x Hx Hdx He. rewrite (sorted_id_inj l x s) in Hdx by (auto; congruence). done.
      * apply Hstale. intros x Hx _ He. rewrite <- He, (bt_get_in l x) in Eg by done. done.
Qed.

(** *** The heap *)

Lemma entry_lt_spec x y : if entry_lt x y then entry_le x y else entry_le y x.
Proof.
  unfold entry_lt, entry_le. destruct (Z.ltb_spec (fst x) (fst y)), (Z.eqb_spec (fst x) (fst y)), (Z.ltb_spec (snd x) (snd y)); cbn; lia.
Qed.

Lemma heap_push_in x h e : In e (heap_push x h) <-> e = x \/ In e h.
Proof.
  induction h as [|y h IH]; cbn [heap_push]; [cbn; intuition congruence|].
  destruct (entry_lt y x); cbn [In]; [rewrite IH|]; cbn [In]; intuition congruence.
Qed.

Lemma heap_push_sorted x h : StronglySorted entry_le h -> StronglySorted entry_le (heap_push x h).
Proof.
  induction h as [|y h IH]; cbn [heap_push]; intros Hs; [by repeat constructor|].
  apply StronglySorted_inv in Hs as Hs'. destruct Hs' as [Hs1 Hall]. rewrite List.Forall_forall in Hall.
  pose proof (entry_lt_spec y x) as Hc. destruct (entry_lt y x).
  - constructor; [auto|]. rewrite List.Forall_forall. intros e [->|He]%heap_push_in; auto.
  - constructor; [done|]. rewrite List.Forall_forall. intros e [<-|He]; [done|]. specialize (Hall _ He).
    unfold entry_le in *. lia.
Qed.

Lemma next_entry_spec l h : StronglySorted entry_le h -> StronglySorted Z.lt (map id l) -> timed_in h l ->
  exists h' d, next_entry l h = (h', d) /\ StronglySorted entry_le h' /\ timed_in h' l /\
    match d with
    | None => Forall (fun s => deadline s = None) l
    | Some m => Exists (fun s => deadline s = Some m) l /\ Forall (fun s => forall d', deadline s = Some d' -> m <= d') l
    end.
Proof.
  induction h as [|e h IH]; intros Hh Hl Ht; cbn [next_entry].
  - exists [], None. split_and!; auto. unfold timed_in in Ht. rewrite List.Forall_forall in *. intros s Hin.
    destruct (deadline s) as [d|] eqn:E; [destruct (Ht s Hin d E) | done].
  - apply StronglySorted_inv in Hh as Hh'. destruct Hh' as [Hh1 Hall]. rewrite List.Forall_forall in Hall.
    destruct (current l e) eqn:Ec.
    + exists (e :: h), (Some (fst e)). split; [done|]. split; [done|]. split; [done|].
      unfold current in Ec. destruct (bt_get (snd e) l) as [s|] eqn:Eg; [|done]. apply bt_get_Some in Eg as [Hin _].
      apply bool_decide_eq_true in Ec. split; [apply List.Exists_exists; by exists s|].
      unfold timed_in in Ht. rewrite List.Forall_forall in *. intros x Hx d Hd.
      destruct (Ht x Hx d Hd) as [->|He]; [cbn; lia|]. specialize (Hall _ He). unfold entry_le in Hall. cbn in Hall. lia.
    + apply IH; auto. apply (timed_remove e); [done|]. intros s Hin Hd Hi.
      unfold current in Ec. rewrite <- Hi, (bt_get_in l s), Hd in Ec by done. by apply bool_decide_eq_false in Ec.
Qed.

(** ** Steps *)

(** What every operation keeps: the invariant; every sleeper of before either
    stays or is handed back, once; nothing dead becomes live. *)
Record step_ok q (out : list (Wakeup T)) q' : Prop := {
  so_wf : wf q';
  so_ids : map id (sleepers q') ++ map w_id out ≡ₚ map id (sleepers q) ++ seqZ (next_waiter q) (next_waiter q' - next_waiter q);
  so_waiter : next_waiter q <= next_waiter q';
  so_out : Forall (fun w => w_channel w ∈ live_channels q \/ next_generation q <= w_channel w) out;
  so_gen : next_generation q <= next_generation q';
  so_live : forall c, c ∈ live_channels q' -> c ∈ live_channels q \/ next_generation q <= c }.

(** Operations that only remove sleepers. *)
Lemma shrink_ok q q' (gone : Sleeper T -> bool) (ds : list (Sleeper T)) reason : wf q ->
  sleepers q' = List.filter (fun s => negb (gone s)) (sleepers q) -> ds ≡ₚ List.filter gone (sleepers q) ->
  next_waiter q' = next_waiter q -> next_generation q' = next_generation q ->
  StronglySorted entry_le (deadlines q') -> timed_in (deadlines q') (sleepers q') ->
  live_channels q' ⊆ live_channels q -> Forall (fun s => channel s ∈ live_channels q') (sleepers q') ->
  step_ok q (map (fun s => into_wakeup s reason) ds) q'.
Proof.
  intros [H1 H2 H3 H4 H5 H6 H7] Es Hd En Eg Hh Ht Hl Hc. constructor; rewrite ?En, ?Eg; try lia.
  - constructor; rewrite ?En, ?Eg; auto; rewrite ?Es; [by apply ids_sorted_filter | by apply Forall_List_filter].
  - rewrite Z.sub_diag, Es. cbn [seqZ]. rewrite app_nil_r, map_map. cbn [into_wakeup w_id].
    rewrite Hd, <- map_app. apply Permutation_map, filter_split.
  - rewrite List.Forall_forall. intros w (s & <- & Hin)%in_map_iff. left.
    apply (Permutation_in _ Hd) in Hin. apply filter_In in Hin as [Hin _]. by apply (proj1 (List.Forall_forall _ _) H5).
  - intros c Hin. left. set_solver.
Qed.

(** Operations that remove the sleepers [gone] holds of, and change nothing
    but them and the statistics. *)
Lemma removed_ok q (gone : Sleeper T -> bool) st reason (ds : list (Sleeper T)) : wf q ->
  ds ≡ₚ List.filter gone (sleepers q) ->
  step_ok q (map (fun s => into_wakeup s reason) ds)
    (set_stats (set_sleepers q (List.filter (fun s => negb (gone s)) (sleepers q))) st).
Proof.
  intros H Hd. eapply shrink_ok; [done|done|exact Hd|..]; cbn; auto; try apply H; apply Forall_List_filter; apply H.
Qed.

Lemma step_ok_refl q : wf q -> step_ok q [] q.
Proof.
  intros H. constructor; auto; try lia; [].
  rewrite Z.sub_diag. cbn. by rewrite !app_nil_r.
Qed.

Lemma step_ok_trans q out1 q1 out2 q2 : step_ok q out1 q1 -> step_ok q1 out2 q2 -> step_ok q (out1 ++ out2) q2.
Proof.
  intros [A1 A2 A3 A4 A5 A6] [B1 B2 B3 B4 B5 B6]. constructor; try done; try lia.
  - replace (next_waiter q2 - next_waiter q) with ((next_waiter q1 - next_waiter q) + (next_waiter q2 - next_waiter q1)) by lia.
    rewrite seqZ_app by lia. replace (next_waiter q + (next_waiter q1 - next_waiter q)) with (next_waiter q1) by lia.
    rewrite app_assoc, <- A2, map_app, <- !app_assoc, (Permutation_app_comm (map w_id out1)), !app_assoc, B2.
    rewrite <- !app_assoc. apply Permutation_app_head, Permutation_app_comm.
  - apply Forall_app. split; [done|]. rewrite List.Forall_forall in *. intros w Hw.
    destruct (B4 w Hw) as [H|H]; [destruct (A6 _ H); [by left | right; lia] | right; lia].
  - intros c Hc. destruct (B6 c Hc) as [H|H]; [by apply A6 | right; lia].
Qed.

Lemma open_channel_ok q q' c : wf q -> open_channel q = Some (q', Ok c) ->
  step_ok q [] q' /\ c = next_generation q /\ sleepers q' = sleepers q /\ c ∈ live_channels q'.
Proof.
  intros H E. unfold open_channel in E. destruct (checked_add_cases u64_max (next_generation q) 1) as [[E1 Hle]|[E1 _]];
    rewrite E1 in E; [|done]. simplify_eq. destruct H as [H1 H2 H3 H4 H5 H6 H7].
  split; [|cbn; set_solver]. constructor; cbn; try lia; try done.
  - constructor; cbn; auto; try lia.
    + eapply Forall_impl; [exact H5|]. cbn. set_solver.
    + intros c. rewrite elem_of_union, elem_of_singleton. intros [->|Hc%H6]; lia.
  - rewrite Z.sub_diag. cbn. by rewrite !app_nil_r.
  - intros c. rewrite elem_of_union, elem_of_singleton. intros [->|Hc]; [right; lia | by left].
Qed.

Lemma release_channel_ok q c : wf q -> Forall (fun s => channel s <> c) (sleepers q) -> step_ok q [] (release_channel c q).
Proof.
  intros [H1 H2 H3 H4 H5 H6 H7] Hc. constructor; cbn; try lia; try done; [|rewrite Z.sub_diag; cbn; by rewrite !app_nil_r|set_solver].
  constructor; cbn; auto; [|set_solver]. rewrite List.Forall_forall in *. intros s Hs.
  specialize (H5 s Hs). specialize (Hc s Hs). set_solver.
Qed.

Lemma park_ok r q : wf q -> step_ok q [] (fst (park r q)).
Proof.
  intros H. unfold park. destruct (is_channel_live q (q_channel r)) eqn:El; cbn [negb]; [|by apply step_ok_refl].
  destruct (Z.ltb_spec i64_max (next_waiter q)); [by apply step_ok_refl|].
  destruct H as [H1 H2 H3 H4 H5 H6 H7]. apply bool_decide_eq_true in El.
  assert (Hnew : forall s : Sleeper T, id s = next_waiter q -> bt_insert s (sleepers q) = sleepers q ++ [s]).
  { intros s Hs. apply bt_insert_last. eapply Forall_impl; [exact H2|]. cbn. lia. }
  cbn [fst]. rewrite Hnew by done. constructor; cbn [sleepers next_waiter next_generation live_channels map]; try lia; auto.
  - constructor; cbn [sleepers next_waiter next_generation live_channels deadlines]; auto; try lia.
    + rewrite map_app. apply StronglySorted_app. split; [|by split; repeat constructor].
      intros x y Hx Hy. cbn in Hy. apply list_elem_of_singleton in Hy as ->.
      apply list_elem_of_In, in_map_iff in Hx as (s & <- & Hs). apply (proj1 (List.Forall_forall _ _) H2 s Hs).
    + apply Forall_app. split; [eapply Forall_impl; [exact H2|]; cbn; lia | repeat constructor; cbn; lia].
    + apply Forall_app. split; [|constructor; [|constructor]].
      * eapply Forall_impl; [exact H3|]. cbn. intros s Hs d Hd. destruct (q_deadline r); [apply heap_push_in; right|]; auto.
      * cbn. intros d ->. apply heap_push_in. by left.
    + destruct (q_deadline r); [by apply heap_push_sorted | done].
    + apply Forall_app. split; [done | by repeat constructor].
  - rewrite map_app. cbn [map id app]. rewrite app_nil_r. replace (next_waiter q + 1 - next_waiter q) with 1 by lia. done.
Qed.

Lemma get_filter l i s : StronglySorted Z.lt (map id l) -> bt_get i l = Some s ->
  [s] ≡ₚ List.filter (fun x => id x =? i) l.
Proof.
  intros Hl [Hin <-]%bt_get_Some. rewrite (filter_perm _ _ _ (bt_remove_perm l s Hl Hin)). cbn [List.filter].
  rewrite Z.eqb_refl. unfold bt_remove. rewrite filter_and.
  rewrite filter_none; [done|]. intros x _. by destruct (id x =? id s).
Qed.

Lemma leaves_perm l (sel : list (Sleeper T)) : StronglySorted Z.lt (map id l) -> NoDup (map id sel) ->
  (forall s, In s sel -> In s l) -> sel ≡ₚ List.filter (leaves (map id sel)) l.
Proof.
  intros Hl Hnd Hin. apply NoDup_Permutation.
  - by eapply NoDup_fmap_1.
  - apply (NoDup_fmap_1 id). apply ids_NoDup. by apply ids_sorted_filter.
  - intros s. rewrite !list_elem_of_In, filter_In. unfold leaves. rewrite existsb_exists. split.
    + intros Hs. split; [auto|]. exists (id s). split; [by apply in_map | apply Z.eqb_refl].
    + intros (Hs & i & Hi & He%Z.eqb_eq). apply in_map_iff in Hi as (x & Hx & Hxs).
      assert (x = s) as <- by (apply (sorted_id_inj l); auto; congruence). done.
Qed.

(** The sleepers a limited wake picks. *)
Definition picked (source : WakeSource) (max : nat) (accept : Sleeper T -> bool) l : list (Sleeper T) :=
  take max (List.filter (fun s => matches s source && accept s) l).

Lemma picked_sub source max accept l s : In s (picked source max accept l) -> In s l.
Proof.
  intros Hs. assert (Hs' : In s (List.filter (fun s => matches s source && accept s) l))
    by (rewrite <- (take_drop max); apply in_app_iff; by left).
  by apply filter_In in Hs' as [? _].
Qed.

Lemma picked_NoDup source max accept l : StronglySorted Z.lt (map id l) -> NoDup (map id (picked source max accept l)).
Proof.
  intros Hl. unfold picked. apply (ids_sorted_filter (fun s => matches s source && accept s)) in Hl.
  apply ids_NoDup in Hl. rewrite <- (take_drop max (List.filter _ l)), map_app in Hl. by apply NoDup_app in Hl as [Hl _].
Qed.

Lemma wake_limited_spec source max accept q : StronglySorted Z.lt (map id (sleepers q)) ->
  let sel := picked source max accept (sleepers q) in
  wake_limited source max accept q =
    (set_stats (set_sleepers q (List.filter (fun s => negb (leaves (map id sel) s)) (sleepers q)))
       (Nat.iter (length sel) (one_woken source) (stats q)),
     map (fun s => into_wakeup s (BySource source)) sel).
Proof.
  intros Hs sel. unfold wake_limited.
  replace (take max (map id _)) with (map id sel) by (symmetry; apply firstn_map).
  apply remove_each_spec; [done|by apply picked_NoDup|apply picked_sub].
Qed.

Lemma leaves_take n l : StronglySorted Z.lt (map id l) ->
  List.filter (fun s => negb (leaves (map id (take n l)) s)) l = drop n l.
Proof.
  intros Hs. assert (Hf : forall p, List.filter p l = List.filter p (take n l) ++ List.filter p (drop n l))
    by (intros p; by rewrite <- List.filter_app, take_drop).
  rewrite Hf, filter_none, filter_true; [done|..].
  - intros s Hin. apply negb_true_iff, not_true_iff_false. intros (i & Hi & He%Z.eqb_eq)%existsb_exists. subst i.
    rewrite <- (take_drop n l), map_app in Hs. apply StronglySorted_app in Hs as (Hlt & _).
    apply (in_map id) in Hin. rewrite <- list_elem_of_In in Hin, Hi. specialize (Hlt _ _ Hi Hin). lia.
  - intros s Hin. apply negb_false_iff, existsb_exists. exists (id s). split; [by apply in_map | apply Z.eqb_refl].
Qed.

(** Whom [wake] takes. *)
Definition taken source pid_filter (defer : bool) s : bool :=
  admitted source pid_filter s && negb (defer && signal_safe s).

Lemma wake_spec source pid_filter defer q : StronglySorted Z.lt (map id (sleepers q)) ->
  let p := taken source pid_filter defer in
  wake source pid_filter defer q =
    (set_stats (set_sleepers q (List.filter (fun s => negb (p s)) (sleepers q)))
       (Nat.iter (length (List.filter p (sleepers q))) (one_woken source) (stats q)),
     (map (fun s => into_wakeup s (BySource source)) (List.filter p (sleepers q)),
      existsb (fun s => defer && signal_safe s) (List.filter (admitted source pid_filter) (sleepers q)))).
Proof. intros Hs p. unfold wake. rewrite filter_and. fold p. by rewrite (remove_filter_spec _ _ p). Qed.

Lemma retire_channel_spec c q : StronglySorted Z.lt (map id (sleepers q)) ->
  let p := fun s => channel s =? c in
  retire_channel c q =
    (set_stats (set_sleepers (set_live q (live_channels q ∖ {[c]})) (List.filter (fun s => negb (p s)) (sleepers q)))
       (Nat.iter (length (List.filter p (sleepers q))) one_retired (stats q)),
     map (fun s => into_wakeup s Retired) (List.filter p (sleepers q))).
Proof. intros Hs p. unfold retire_channel. fold p. by rewrite (remove_filter_spec _ _ p (set_live q _)). Qed.

Lemma retire_channel_ok c q : wf q -> step_ok q (snd (retire_channel c q)) (fst (retire_channel c q)).
Proof.
  intros H. rewrite retire_channel_spec by apply H. cbn [fst snd].
  apply (shrink_ok q _ (fun s => channel s =? c)); cbn; auto; try apply H; [apply Forall_List_filter, H|set_solver|].
  pose proof (wf_live _ H) as Hl. rewrite List.Forall_forall in *. intros s [Hs Hc]%filter_In.
  specialize (Hl s Hs). apply negb_true_iff, Z.eqb_neq in Hc. set_solver.
Qed.

Lemma retire_channels_ok cs q : wf q -> step_ok q (snd (retire_channels cs q)) (fst (retire_channels cs q)).
Proof.
  revert q. induction cs as [|c cs IH]; intros q H; cbn [retire_channels]; [by apply step_ok_refl|].
  pose proof (retire_channel_ok c q H) as H1. destruct (retire_channel c q) as [q1 out] eqn:E. cbn [fst snd] in H1.
  specialize (IH q1 (so_wf _ _ _ H1)). destruct (retire_channels cs q1) as [q2 more] eqn:E2. by eapply step_ok_trans.
Qed.

Lemma retarget_loop_shape {A} (f : Sleeper T -> A) from to max l :
  (forall s srcs, f (with_sources s srcs) = f s) -> map f (fst (retarget_loop from to max l)) = map f l.
Proof.
  intros Hf. revert max. induction l as [|s l IH]; intros max; [done|]. cbn [retarget_loop].
  destruct max as [|max]; [done|]. destruct (matches s from).
  - specialize (IH max). destruct (retarget_loop from to max l) as [l' n]. cbn [fst map] in *. by rewrite Hf, IH.
  - specialize (IH (S max)). destruct (retarget_loop from to (S max) l) as [l' n]. cbn [fst map] in *. by rewrite IH.
Qed.

(** What the invariant says of a sleeper depends on these fields. *)
Definition shape s : Z * Z * option Z := (id s, channel s, deadline s).
Lemma Forall_shape (P : Z * Z * option Z -> Prop) l l' : map shape l' = map shape l ->
  Forall (fun s => P (shape s)) l -> Forall (fun s => P (shape s)) l'.
Proof. intros E H. apply (List.Forall_map shape P). rewrite E. by apply (List.Forall_map shape P). Qed.

Lemma retarget_ok from to max q : wf q -> step_ok q [] (fst (retarget from to max q)).
Proof.
  intros [H1 H2 H3 H4 H5 H6 H7]. unfold retarget.
  pose proof (retarget_loop_shape shape from to max (sleepers q) (fun _ _ => eq_refl)) as Hsh.
  pose proof (retarget_loop_shape id from to max (sleepers q) (fun _ _ => eq_refl)) as Hid.
  destruct (retarget_loop from to max (sleepers q)) as [l n]. cbn [fst] in *. constructor; cbn; auto; try lia.
  - constructor; cbn; auto.
    + by rewrite Hid.
    + by apply (Forall_shape (fun '(i, _, _) => 1 <= i < next_waiter q) (sleepers q)).
    + by apply (Forall_shape (fun '(i, _, dl) => forall d, dl = Some d -> In (d, i) (deadlines q)) (sleepers q)).
    + by apply (Forall_shape (fun '(_, c, _) => c ∈ live_channels q) (sleepers q)).
  - rewrite Z.sub_diag, Hid. by cbn.
Qed.

Lemma next_deadline_ok q : wf q -> step_ok q [] (fst (next_deadline_ns q)).
Proof.
  intros [H1 H2 H3 H4 H5 H6 H7]. unfold next_deadline_ns.
  destruct (next_entry_spec (sleepers q) (deadlines q) H4 H1 H3) as (h & d & -> & Hh & Ht & _). cbn [fst].
  constructor; cbn; auto; try lia; [by constructor|]. rewrite Z.sub_diag. by cbn.
Qed.

Lemma expire_ok now q : wf q -> step_ok q (snd (expire now q)) (fst (expire now q)).
Proof.
  intros H. unfold expire.
  destruct (expire_loop_spec now (deadlines q) (sleepers q) (stats q) []) as (h & ds & -> & Hp & _ & Hh & Ht & _); try apply H.
  cbn [fst snd app]. apply (shrink_ok q _ (due now)); cbn; auto. apply Forall_List_filter, H.
Qed.

Lemma removal_ok i reason q s st : wf q -> bt_get i (sleepers q) = Some s ->
  step_ok q [into_wakeup s reason] (set_stats (set_sleepers q (bt_remove i (sleepers q))) st).
Proof. intros H E. apply (removed_ok q (fun s => id s =? i) st reason [s]); [done|]. apply get_filter; [apply H | done]. Qed.

Lemma set_enabled_ok b q : wf q -> step_ok q [] (set_enabled b q).
Proof. intros [H1 H2 H3 H4 H5 H6 H7]. constructor; cbn; auto; try lia; [by constructor | rewrite Z.sub_diag; by cbn]. Qed.

Lemma open_deadline_ok p t k now timeout q q' res : wf q -> open_deadline p t k now timeout q = Some (q', res) ->
  step_ok q [] q'.
Proof.
  intros H. unfold open_deadline, op_bind, op_get, op_err, op_lift. destruct (enabled q); cbn [negb].
  2: { intros E. simplify_eq. by apply step_ok_refl. }
  destruct (open_channel q) as [[q1 r1]|] eqn:E1; [|done].
  assert (exists c, r1 = Ok c) as [c ->].
  { unfold open_channel in E1. destruct (checked_add _ _ _); simplify_eq. eauto. }
  destruct (open_channel_ok q q1 c H E1) as (H1 & Ec & Es & _).
  destruct (match timeout with Some _ => _ | None => _ end) as [d|e]; [|intros E; by simplify_eq].
  destruct (park (mkRequest p t c k [] d None false) q1) as [q2 res2] eqn:E2.
  pose proof (park_ok (mkRequest p t c k [] d None false) q1 (so_wf _ _ _ H1)) as H2. rewrite E2 in H2. cbn [fst] in H2.
  pose proof (step_ok_trans _ _ _ _ _ H1 H2) as H12. cbn [app] in H12. destruct res2; intros E; simplify_eq; [done|].
  assert (q2 = q1) as -> by (unfold park in E2; repeat case_match; by simplify_eq).
  pose proof (retire_channel_ok (next_generation q) q1 (so_wf _ _ _ H1)) as H3.
  assert (Hn : snd (retire_channel (next_generation q) q1) = []).
  { rewrite retire_channel_spec by apply (so_wf _ _ _ H1). cbn [snd]. rewrite Es.
    destruct (List.filter _ (sleepers q)) as [|s l] eqn:Ef; [done|]. exfalso.
    assert (Hs : In s (s :: l)) by by left. rewrite <- Ef in Hs. apply filter_In in Hs as [Hs Hc%Z.eqb_eq].
    pose proof (proj1 (List.Forall_forall _ _) (wf_live _ H) s Hs) as Hl%(wf_minted _ H). lia. }
  rewrite Hn in H3. exact (step_ok_trans _ _ _ _ _ H1 H3).
Qed.

(** The operations, with the wakeups they hand back. A generation is released
    only once its sleeper has left. *)
Inductive queue_step q : list (Wakeup T) -> WaitQueue T -> Prop :=
  | step_open q' c : open_channel q = Some (q', Ok c) -> queue_step q [] q'
  | step_release c : Forall (fun s => channel s <> c) (sleepers q) -> queue_step q [] (release_channel c q)
  | step_park r : queue_step q [] (fst (park r q))
  | step_next : queue_step q [] (fst (next_deadline_ns q))
  | step_expire now : queue_step q (snd (expire now q)) (fst (expire now q))
  | step_wake source pid_filter defer :
      queue_step q (fst (snd (wake source pid_filter defer q))) (fst (wake source pid_filter defer q))
  | step_wake_limited source max accept :
      queue_step q (snd (wake_limited source max accept q)) (fst (wake_limited source max accept q))
  | step_retarget from to max : queue_step q [] (fst (retarget from to max q))
  | step_remove i reason : queue_step q (option_list (snd (remove_with_reason i reason q))) (fst (remove_with_reason i reason q))
  | step_cancel i : queue_step q (option_list (snd (cancel i q))) (fst (cancel i q))
  | step_cancel_task p t : queue_step q (snd (cancel_task p t q)) (fst (cancel_task p t q))
  | step_retire_channel c : queue_step q (snd (retire_channel c q)) (fst (retire_channel c q))
  | step_retire_process p : queue_step q (snd (retire_process p q)) (fst (retire_process p q))
  | step_enable b : queue_step q [] (fst (global_set_enabled b q))
  | step_open_deadline p t k now timeout q' res :
      open_deadline p t k now timeout q = Some (q', res) -> queue_step q [] q'.

Inductive queue_run : WaitQueue T -> list (Wakeup T) -> WaitQueue T -> Prop :=
  | run_nil q : queue_run q [] q
  | run_cons q out q1 outs q2 : queue_step q out q1 -> queue_run q1 outs q2 -> queue_run q (out ++ outs) q2.

Lemma run_snoc q out q1 out' q2 : queue_run q out q1 -> queue_step q1 out' q2 -> queue_run q (out ++ out') q2.
Proof.
  induction 1 as [q|q o q3 outs q4 Hs Hr IH]; intros H3.
  - cbn. rewrite <- (app_nil_r out'). by eapply run_cons; [|apply run_nil].
  - rewrite <- app_assoc. eapply run_cons; [done|]. by apply IH.
Qed.

Lemma queue_step_ok q out q' : wf q -> queue_step q out q' -> step_ok q out q'.
Proof.
  intros H Hs. destruct Hs as [q' c E|c Hc|r| |now|source pf defer|source max accept|from to max|i reason|i|p t|c|p|b|p t k now tm q' res E].
  - by destruct (open_channel_ok q q' c H E).
  - by apply release_channel_ok.
  - by apply park_ok.
  - by apply next_deadline_ok.
  - by apply expire_ok.
  - rewrite wake_spec by apply H. cbn [fst snd]. by apply removed_ok.
  - rewrite wake_limited_spec by apply H. cbn [fst snd]. apply removed_ok; [done|].
    apply leaves_perm; [apply H|apply picked_NoDup, H|apply picked_sub].
  - by apply retarget_ok.
  - unfold remove_with_reason. destruct (bt_get i (sleepers q)) as [s|] eqn:E; cbn; [by apply removal_ok | by apply step_ok_refl].
  - unfold cancel. destruct (bt_get i (sleepers q)) as [s|] eqn:E; cbn; [by apply removal_ok | by apply step_ok_refl].
  - unfold cancel_task. rewrite (remove_filter_spec _ _ (fun s => (pid s =? p) && (tid s =? t))) by apply H. by apply removed_ok.
  - by apply retire_channel_ok.
  - by apply retire_channels_ok.
  - unfold global_set_enabled. case_match; [by apply step_ok_refl | by apply set_enabled_ok].
  - by eapply open_deadline_ok.
Qed.

Lemma queue_run_ok q out q' : wf q -> queue_run q out q' -> step_ok q out q'.
Proof.
  intros H Hr. revert H. induction Hr as [q|q out q1 outs q2 Hs _ IH]; intros H; [by apply step_ok_refl|].
  pose proof (queue_step_ok _ _ _ H Hs) as H1. eapply step_ok_trans; [exact H1|]. apply IH, H1.
Qed.

Lemma wf_new : wf new.
Proof. constructor; cbn; try constructor; try done; set_solver. Qed.
End Invariant.

(** ** Properties *)

Section Properties.
Context {T : Type}.
Implicit Types (q : WaitQueue T) (s : Sleeper T).

(** No wait is lost and none ends twice: along any sequence of operations from
    the empty queue, the waiters numbered so far are exactly those asleep and
    those handed back, each once; and the queue is well formed. *)
Theorem every_wait_ends_once q trace : queue_run new trace q ->
  wf q /\ map id (sleepers q) ++ map w_id trace ≡ₚ seqZ 1 (next_waiter q - 1).
Proof. intros [H1 H2 _ _ _ _]%(queue_run_ok _ _ _ wf_new). split; [done|]. exact H2. Qed.

(** Once a minted generation is retired, no later operation wakes a sleeper of
    it, none is parked on it and it never becomes live again, whatever is
    opened afterwards. *)
Theorem retired_generation_is_silent trace q c trace' q' : queue_run new trace q -> c < next_generation q ->
  queue_run (fst (retire_channel c q)) trace' q' ->
  Forall (fun w => w_channel w <> c) trace' /\ Forall (fun s => channel s <> c) (sleepers q') /\
  is_channel_live q' c = false /\ (forall r, q_channel r = c -> park r q' = (q', Err ESRCH)).
Proof.
  intros Hr Hc Hr'. pose proof (so_wf _ _ _ (queue_run_ok _ _ _ wf_new Hr)) as H.
  pose proof (retire_channel_ok c q H) as H1. pose proof (queue_run_ok _ _ _ (so_wf _ _ _ H1) Hr') as H2.
  assert (Hd : c ∉ live_channels (fst (retire_channel c q)) /\ c < next_generation (fst (retire_channel c q))).
  { rewrite retire_channel_spec by apply H. cbn. split; [set_solver | done]. }
  assert (Hd' : c ∉ live_channels q') by (intros Hl; destruct (so_live _ _ _ H2 c Hl); [by apply Hd | lia]).
  split_and!.
  - eapply Forall_impl; [exact (so_out _ _ _ H2)|]. cbn. intros w Hw He. rewrite He in Hw. destruct Hw; [by apply Hd | lia].
  - eapply Forall_impl; [exact (wf_live _ (so_wf _ _ _ H2))|]. cbn. intros s Hl He. by rewrite He in Hl.
  - by apply bool_decide_eq_false.
  - intros r He. unfold park, is_channel_live. by rewrite He, bool_decide_eq_false_2.
Qed.

(** [expire] wakes exactly the sleepers whose deadline has passed, earliest
    deadline first and in parking order within one deadline, leaves the others
    asleep, and counts the expiries, those of waits with sources apart. *)
Theorem expire_wakes_exactly_the_due now q : wf q ->
  exists ds, snd (expire now q) = map (fun s => into_wakeup s ByDeadline) ds /\
    ds ≡ₚ List.filter (due now) (sleepers q) /\ StronglySorted entry_le (map key ds) /\
    sleepers (fst (expire now q)) = List.filter (fun s => negb (due now s)) (sleepers q) /\
    stats (fst (expire now q)) = fold_left count_expiry ds (stats q).
Proof.
  intros H. unfold expire.
  destruct (expire_loop_spec now (deadlines q) (sleepers q) (stats q) []) as (h & ds & -> & Hp & Hs & _); try apply H.
  by exists ds.
Qed.

(** The one machine timer is enough: [next_deadline_ns] is the least deadline
    of any sleeper, none if no sleeper has one, and the wait it names is the
    first to expire: before that time [expire] wakes nobody, from it on it
    wakes somebody. *)
Theorem one_timer_is_enough now q : wf q ->
  match snd (next_deadline_ns q) with
  | None => Forall (fun s => deadline s = None) (sleepers q) /\ snd (expire now q) = []
  | Some m => Exists (fun s => deadline s = Some m) (sleepers q) /\
      Forall (fun s => forall d, deadline s = Some d -> m <= d) (sleepers q) /\
      (snd (expire now q) = [] <-> now < m)
  end.
Proof.
  intros H. unfold next_deadline_ns, expire.
  destruct (next_entry_spec (sleepers q) (deadlines q)) as (h & d & -> & _ & _ & Hd); try apply H.
  destruct (expire_loop_spec now (deadlines q) (sleepers q) (stats q) []) as (h' & ds & -> & Hp & _); try apply H.
  cbn [snd app].
  assert (Hnil : map (fun s => into_wakeup s ByDeadline) ds = [] <-> forall s, In s (sleepers q) -> due now s = false).
  { split.
    - intros ->%map_eq_nil s Hin. apply not_true_iff_false. intros Hdue.
      assert (Hf : In s []) by (apply (Permutation_in _ (symmetry Hp)), filter_In; done). destruct Hf.
    - intros Hn. destruct ds as [|s ds]; [done|]. exfalso.
      assert (Hs : In s (List.filter (due now) (sleepers q))) by (apply (Permutation_in _ Hp); by left).
      apply filter_In in Hs as [Hs Hdue]. by rewrite Hn in Hdue. }
  destruct d as [m|].
  - destruct Hd as [He Hf]. split; [done|]. split; [done|]. rewrite Hnil. apply List.Exists_exists in He as (s & Hs & Hsd).
    rewrite List.Forall_forall in Hf. split.
    + intros Hn. specialize (Hn s Hs). unfold due in Hn. rewrite Hsd in Hn. by apply Z.leb_gt in Hn.
    + intros Hlt x Hx. unfold due. destruct (deadline x) as [d|] eqn:E; [|done]. apply Z.leb_gt. specialize (Hf x Hx d E). lia.
  - split; [done|]. apply Hnil. intros s Hs. unfold due. by rewrite (proj1 (List.Forall_forall _ _) Hd s Hs).
Qed.

(** [wake] takes exactly the sleepers registered for the source that the
    filter admits and that are not held back, in parking order, reports
    whether one was held back, and leaves every other sleeper as it is. *)
Theorem wake_takes_every_match source pid_filter defer q : wf q ->
  let res := wake source pid_filter defer q in
  fst (snd res) = map (fun s => into_wakeup s (BySource source)) (List.filter (taken source pid_filter defer) (sleepers q)) /\
  sleepers (fst res) = List.filter (fun s => negb (taken source pid_filter defer s)) (sleepers q) /\
  (snd (snd res) = true <->
     exists s, In s (sleepers (fst res)) /\ admitted source pid_filter s = true /\ defer = true /\ signal_safe s = true).
Proof.
  intros H res. unfold res. rewrite wake_spec by apply H. cbn. split; [done|]. split; [done|].
  rewrite existsb_exists. split.
  - intros (s & [Hs Ha]%filter_In & [Hd Hss]%andb_true_iff). exists s. rewrite filter_In. unfold taken.
    rewrite Ha, Hd, Hss. by repeat split.
  - intros (s & [Hs _]%filter_In & Ha & Hd & Hss). exists s. rewrite filter_In, Hd, Hss. by repeat split.
Qed.

(** [wake_limited] takes the oldest matching sleepers, up to the limit: every
    one it takes was parked before every match it leaves, and it leaves one
    only when the limit is reached. *)
Theorem wake_limited_is_fifo source max accept q : wf q ->
  let hit s := matches s source && accept s in
  exists sel, snd (wake_limited source max accept q) = map (fun s => into_wakeup s (BySource source)) sel /\
    (length sel <= max)%nat /\ Forall (fun s => In s (sleepers q) /\ hit s = true) sel /\
    sel ++ List.filter hit (sleepers (fst (wake_limited source max accept q))) = List.filter hit (sleepers q) /\
    (List.filter hit (sleepers (fst (wake_limited source max accept q))) <> [] -> length sel = max) /\
    List.filter (fun s => negb (hit s)) (sleepers (fst (wake_limited source max accept q))) =
      List.filter (fun s => negb (hit s)) (sleepers q).
Proof.
  intros H hit. pose proof (wf_ids _ H) as Hs. rewrite wake_limited_spec by done. cbn zeta. cbn [fst snd].
  set (sel := picked source max accept (sleepers q)). exists sel. split; [done|].
  cbn [set_stats set_sleepers sleepers]. rewrite !filter_and.
  assert (Hsel : forall s, In s sel -> In s (sleepers q) /\ hit s = true).
  { intros s Hin. unfold sel, picked in Hin. apply filter_In. rewrite <- (take_drop max). apply in_app_iff. by left. }
  assert (Hrest : List.filter (fun s => negb (leaves (map id sel) s) && hit s) (sleepers q) = drop max (List.filter hit (sleepers q))).
  { rewrite (filter_ext _ (fun s => hit s && negb (leaves (map id sel) s))) by (intros; apply andb_comm).
    rewrite <- filter_and. apply leaves_take. by apply ids_sorted_filter. }
  rewrite Hrest. split_and!.
  - unfold sel, picked. rewrite length_take. lia.
  - by apply List.Forall_forall.
  - apply take_drop.
  - intros Hne. unfold sel, picked. fold hit. rewrite length_take. rewrite <- length_zero_iff_nil, length_drop in Hne. lia.
  - apply filter_ext_in. intros s Hin. destruct (hit s) eqn:E; [apply andb_false_r|]. rewrite andb_true_r.
    apply negb_true_iff, not_true_iff_false. intros (i & Hi & He%Z.eqb_eq)%existsb_exists. subst i.
    apply in_map_iff in Hi as (x & Hx & Hxs). destruct (Hsel x Hxs) as [Hxq Hh].
    assert (x = s) as -> by by apply (sorted_id_inj (sleepers q)). congruence.
Qed.

Lemma find_filter_neq (c c' : Z) (l : list (Sleeper T)) : c' <> c ->
  List.find (fun s => channel s =? c') (List.filter (fun s => negb (channel s =? c)) l) = List.find (fun s => channel s =? c') l.
Proof.
  intros Hne. induction l as [|s l IH]; [done|]. cbn [List.filter List.find].
  destruct (Z.eqb_spec (channel s) c) as [->|Hc]; cbn [negb List.find].
  - rewrite IH. by rewrite (proj2 (Z.eqb_neq c c')) by lia.
  - by rewrite IH.
Qed.

(** The deadline authority: a wait opened with a timeout reports under its
    handle the time left of that timeout, never negative, and leaves the
    reports of every other handle alone; closing it makes the handle unknown
    ([ESRCH], never an infinite wait) and again leaves the others alone. *)
Theorem deadline_handle_contract p t k now timeout q q' c later : wf q ->
  open_deadline p t k now timeout q = Some (q', Ok c) ->
  remaining_ns q' c later = Ok (option_map (fun ns => Z.max (i64_saturating_sub (now + ns) later) 0) timeout) /\
  snd (close c q') = true /\ remaining_ns (fst (close c q')) c later = Err ESRCH /\
  forall c', c' <> c -> remaining_ns q' c' later = remaining_ns q c' later /\
    remaining_ns (fst (close c q')) c' later = remaining_ns q c' later.
Proof.
  intros H E. pose proof (open_deadline_ok _ _ _ _ _ _ _ _ H E) as Hok.
  unfold open_deadline, op_bind, op_get, op_err, op_lift in E. destruct (enabled q); [|done]. cbn [negb] in E.
  destruct (open_channel q) as [[q1 r1]|] eqn:E1; [|done]. destruct r1 as [c1|e1]; [|done].
  destruct (open_channel_ok q q1 c1 H E1) as (H1 & Ec & Es & _).
  destruct (match timeout with Some _ => _ | None => _ end) as [d|e] eqn:Et; [|done].
  destruct (park (mkRequest p t c1 k [] d None false) q1) as [q2 res2] eqn:E2. destruct res2 as [i|e]; simplify_eq.
  assert (Hd : d = option_map (fun ns => now + ns) timeout).
  { destruct timeout as [ns|]; cbn; [|by simplify_eq]. unfold checked_add_i64 in Et. repeat case_match; by simplify_eq. }
  assert (Hs : exists s, sleepers q' = sleepers q ++ [s] /\ channel s = next_generation q /\ deadline s = d).
  { clear Et Hd. unfold park in E2. destruct (negb _); [done|]. destruct (i64_max <? _); [done|].
    simplify_eq. cbn. rewrite bt_insert_last; [rewrite Es; by eexists|].
    eapply Forall_impl; [exact (wf_range _ (so_wf _ _ _ H1))|]. cbn. lia. }
  destruct Hs as (s & Hs & Hc & Hsd).
  assert (Hold : forall x, In x (sleepers q) -> channel x <> next_generation q).
  { intros x Hx. pose proof (wf_minted _ H _ (proj1 (List.Forall_forall _ _) (wf_live _ H) x Hx)). lia. }
  assert (Hlive : next_generation q ∈ live_channels q').
  { rewrite <- Hc. apply (proj1 (List.Forall_forall _ _) (wf_live _ (so_wf _ _ _ Hok))). rewrite Hs. apply in_app_iff. right. by left. }
  unfold close, is_channel_live, remaining_ns, sleeper_for_channel. rewrite retire_channel_spec by apply Hok.
  cbn [fst snd set_stats set_sleepers sleepers]. rewrite Hs.
  assert (Hfind : forall c', List.find (fun x => channel x =? c') (sleepers q ++ [s]) =
    match List.find (fun x => channel x =? c') (sleepers q) with Some x => Some x | None => if channel s =? c' then Some s else None end).
  { intros c'. generalize (sleepers q) as l. intros l. induction l as [|x l IH]; [by cbn|]. cbn [app List.find].
    by destruct (channel x =? c'). }
  rewrite Hfind. split_and!.
  - destruct (List.find _ (sleepers q)) as [x|] eqn:Ef.
    { apply find_some in Ef as [Hx He%Z.eqb_eq]. by apply Hold in Hx. }
    rewrite Hc, Z.eqb_refl. cbn. rewrite Hsd, Hd. by destruct timeout.
  - by apply bool_decide_eq_true.
  - destruct (List.find _ (List.filter _ _)) as [x|] eqn:Ef; [|done].
    apply find_some in Ef as [[_ Hx]%filter_In He]. by rewrite He in Hx.
  - intros c' Hne. rewrite find_filter_neq by done. rewrite !Hfind. rewrite Hc.
    rewrite (proj2 (Z.eqb_neq (next_generation q) c')) by lia. by destruct (List.find _ (sleepers q)).
Qed.
End Properties.

(** ** Witnesses *)

Definition wq0 : WaitQueue unit := set_enabled true new.
Definition wreq (c : Z) (src : list WakeSource) (d : option Z) (safe : bool) : ParkRequest unit :=
  mkRequest 7 8 c KPoll src d None safe.
(** Three generations; waits on pipe 3 with a deadline, on pipe 3 signal-safe,
    and on a deadline only. *)
Definition wq_open (q : WaitQueue unit) : WaitQueue unit := match open_channel q with Some (q', _) => q' | None => q end.
Definition wq1 : WaitQueue unit := wq_open (wq_open (wq_open new)).
Definition wq2 : WaitQueue unit :=
  fst (park (wreq 3 [] (Some 40) false) (fst (park (wreq 2 [SrcPipe 3] None true) (fst (park (wreq 1 [SrcPipe 3] (Some 50) false) wq1))))).

Lemma wq2_run : queue_run new [] wq2.
Proof.
  assert (Hopen : forall (q : WaitQueue unit) outs q', next_generation q < u64_max ->
    queue_run (wq_open q) outs q' -> queue_run q outs q').
  { intros q outs q' Hlt Hr. apply (run_cons q [] (wq_open q)); [|done]. unfold wq_open.
    destruct (open_channel q) as [[q1 r]|] eqn:E.
    - unfold open_channel in E. destruct (checked_add _ _ _) eqn:Ea in E; simplify_eq. eapply step_open.
      unfold open_channel. by rewrite Ea.
    - unfold open_channel in E. destruct (checked_add_cases u64_max (next_generation q) 1) as [[Ea _]|[Ea ?]];
        rewrite Ea in E; [done|lia]. }
  do 3 (apply Hopen; [by vm_compute|]). fold wq1.
  eapply (run_cons _ []); [apply step_park|]. eapply (run_cons _ []); [apply step_park|].
  eapply (run_cons _ []); [apply step_park|]. apply run_nil.
Qed.

Lemma wq2_wf : wf wq2.
Proof. exact (so_wf _ _ _ (queue_run_ok _ _ _ wf_new wq2_run)). Qed.

Lemma every_wait_ends_once_witness : exists q trace, queue_run (@new unit) trace q /\ map w_id trace = [3] /\
  map id (sleepers q) ++ map w_id trace ≡ₚ seqZ 1 (next_waiter q - 1).
Proof.
  pose proof (run_snoc _ _ _ _ _ wq2_run (step_expire wq2 45)) as H. change ([] ++ ?x) with x in H.
  exists (fst (expire 45 wq2)), (snd (expire 45 wq2)). split; [exact H|]. split; [vm_compute; reflexivity|].
  exact (proj2 (every_wait_ends_once _ _ H)).
Defined.

Lemma retired_generation_is_silent_witness : is_channel_live (fst (retire_channel 1 wq2)) 1 = false /\
  is_channel_live (fst (retire_channel 1 wq2)) 2 = true.
Proof.
  split; [|by vm_compute].
  exact (proj1 (proj2 (proj2 (retired_generation_is_silent [] wq2 1 [] _ wq2_run ltac:(by vm_compute) (run_nil _))))).
Defined.

Lemma expire_wakes_exactly_the_due_witness : map w_id (snd (expire 60 wq2)) = [3; 1] /\
  (exists ds, snd (expire 60 wq2) = map (fun s => into_wakeup s ByDeadline) ds /\ ds ≡ₚ List.filter (due 60) (sleepers wq2)).
Proof.
  split; [vm_compute; reflexivity|].
  destruct (expire_wakes_exactly_the_due 60 wq2 wq2_wf) as (ds & H1 & H2 & _). by exists ds.
Defined.

Lemma one_timer_is_enough_witness : snd (next_deadline_ns wq2) = Some 40 /\ (snd (expire 39 wq2) = [] <-> 39 < 40).
Proof.
  pose proof (one_timer_is_enough 39 wq2 wq2_wf) as H. split; [vm_compute; reflexivity|].
  change (snd (next_deadline_ns wq2)) with (Some 40) in H. exact (proj2 (proj2 H)).
Defined.

Lemma wake_takes_every_match_witness : map w_id (fst (snd (wake (SrcPipe 3) (Some 7) true wq2))) = [1] /\
  map id (sleepers (fst (wake (SrcPipe 3) (Some 7) true wq2))) = [2; 3] /\
  (snd (snd (wake (SrcPipe 3) (Some 7) true wq2)) = true <->
     exists s, In s (sleepers (fst (wake (SrcPipe 3) (Some 7) true wq2))) /\ admitted (SrcPipe 3) (Some 7) s = true /\
       true = true /\ signal_safe s = true).
Proof.
  split; [vm_compute; reflexivity|]. split; [vm_compute; reflexivity|].
  exact (proj2 (proj2 (wake_takes_every_match (SrcPipe 3) (Some 7) true wq2 wq2_wf))).
Defined.

Lemma wake_limited_is_fifo_witness : map w_id (snd (wake_limited (SrcPipe 3) 1 (fun _ => true) wq2)) = [1] /\
  exists sel, snd (wake_limited (SrcPipe 3) 1 (fun _ => true) wq2) = map (fun s => into_wakeup s (BySource (SrcPipe 3))) sel /\
    (length sel <= 1)%nat.
Proof.
  split; [vm_compute; reflexivity|].
  destruct (wake_limited_is_fifo (SrcPipe 3) 1 (fun _ => true) wq2 wq2_wf) as (sel & H1 & H2 & _). by exists sel.
Defined.

Lemma deadline_handle_contract_witness :
  exists q', open_deadline 7 8 KPoll 100 (Some 25) wq0 = Some (q', Ok 1) /\ remaining_ns q' 1 110 = Ok (Some 15) /\
    remaining_ns (fst (close 1 q')) 1 110 = Err ESRCH.
Proof.
  destruct (open_deadline 7 8 KPoll 100 (Some 25) wq0) as [[q' res]|] eqn:E; [|vm_compute in E; discriminate E].
  assert (res = Ok 1) as -> by (vm_compute in E; congruence).
  pose proof (deadline_handle_contract 7 8 KPoll 100 (Some 25) wq0 q' 1 110 (so_wf _ _ _ (set_enabled_ok true new wf_new)) E)
    as (H1 & _ & H2 & _).
  exists q'. split; [reflexivity|]. split; [exact H1 | exact H2].
Defined.

(** A timeout whose deadline overflows is refused with [EOVERFLOW], but the
    generation minted for it stays live: the error returns before the path
    that retires it. *)
Example overflowing_timeout_keeps_its_generation :
  match open_deadline 7 8 KPoll 1 (Some i64_max) wq0 with
  | Some (q', Err EOVERFLOW) => is_channel_live q' 1 = true /\ sleepers q' = []
  | _ => False
  end.
Proof. vm_compute. by split. Qed.
