(* ===== verification/ProcSignal.v ===== *)
(** * Signals of a process (crates/runtime-core/src/process.rs)

    What a process adds to the queues of Signal.v: which thread a signal
    reaches, what generating one does (job control included), how it is
    consumed, and the temporary masks of [ppoll], [pselect], [sigsuspend],
    [pause] and [epoll_pwait] across caught handlers. [signal_targets_task]
    and [ignored_signals] are in wait_park.rs, [take_signal_for] in
    wait_signal.rs, [sys_sigaction] in syscalls.rs.

    The calls these methods make to other components (the parks, the wakeup
    buffer, the process table, epoll) are recorded in order in [p_calls]. A
    thread is its id with its signal state; the main thread is the process. *)

From S2P Require Import Prelude Signal.

Create HintDb sig.

Inductive ProcessState : Type := Running | Stopped | Exited | Limbo.
#[global] Instance ProcessState_eq_dec : EqDecision ProcessState.
Proof. solve_decision. Defined.
#[global] Instance SignalMaskWaitKind_eq_dec : EqDecision SignalMaskWaitKind.
Proof. solve_decision. Defined.
#[global] Instance SignalMaskWaitState_eq_dec : EqDecision SignalMaskWaitState.
Proof. solve_decision. Defined.

(** crates/shared/src/lib.rs, module [wait] and the wakeup types. *)
Definition EVENT_EXITED : Z := 1.
Definition EVENT_STOPPED : Z := 2.
Definition EVENT_CONTINUED : Z := 4.
Definition CLD_EXITED : Z := 1.
Definition CLD_KILLED : Z := 2.
Definition CLD_STOPPED : Z := 5.
Definition CLD_CONTINUED : Z := 6.

(** Calls to other components. *)
Inductive Call : Type :=
  | NoteSignalGenerated | NoteChildrenChanged | NoteChildExited (pid : Z) | RetireParks (pid : Z)
  | QueueProcessExit (pid : Z) | PushProcessStopped (pid : Z) | PushProcessContinued (pid : Z) | EpollFinishWait (tid : Z).

(** The resource usage of the record is always the default one here. *)
Record ChildWaitEvent : Type := mkEvent {
  event_mask : Z; wait_status : Z; event_code : Z; event_status : Z; child_uid : Z }.

(** What the signal code reads of a POSIX timer. *)
Record PosixTimerState : Type := mkTimer {
  sigev_signo : Z; notification_pending : bool; overrun_current : Z; overrun_last : Z }.

Definition ThreadInfo : Type := Z * PerThreadSignalState.

Record Process : Type := mkProcess {
  p_pid : Z; p_ruid : Z; p_state : ProcessState;
  p_signals : SignalState;
  p_main : PerThreadSignalState;
  p_threads : list ThreadInfo;
  p_mask_waits : list SignalMaskWaitContext;
  p_handler_depth : Z;
  p_returned : list Z;
  p_timers : list (option PosixTimerState);
  p_wait_event : option ChildWaitEvent;
  p_exit_status : Z; p_exit_signal : Z;
  p_calls : list Call }.

Section Setters.
Implicit Types p : Process.

Definition set_sig p st : Process :=
  mkProcess (p_pid p) (p_ruid p) (p_state p) st (p_main p) (p_threads p) (p_mask_waits p) (p_handler_depth p) (p_returned p)
    (p_timers p) (p_wait_event p) (p_exit_status p) (p_exit_signal p) (p_calls p).
Definition set_main p t : Process :=
  mkProcess (p_pid p) (p_ruid p) (p_state p) (p_signals p) t (p_threads p) (p_mask_waits p) (p_handler_depth p) (p_returned p)
    (p_timers p) (p_wait_event p) (p_exit_status p) (p_exit_signal p) (p_calls p).
Definition set_threads p ts : Process :=
  mkProcess (p_pid p) (p_ruid p) (p_state p) (p_signals p) (p_main p) ts (p_mask_waits p) (p_handler_depth p) (p_returned p)
    (p_timers p) (p_wait_event p) (p_exit_status p) (p_exit_signal p) (p_calls p).
Definition set_frames p ws d rs : Process :=
  mkProcess (p_pid p) (p_ruid p) (p_state p) (p_signals p) (p_main p) (p_threads p) ws d rs
    (p_timers p) (p_wait_event p) (p_exit_status p) (p_exit_signal p) (p_calls p).
Definition set_timers p ts : Process :=
  mkProcess (p_pid p) (p_ruid p) (p_state p) (p_signals p) (p_main p) (p_threads p) (p_mask_waits p) (p_handler_depth p) (p_returned p)
    ts (p_wait_event p) (p_exit_status p) (p_exit_signal p) (p_calls p).
Definition set_state p s : Process :=
  mkProcess (p_pid p) (p_ruid p) s (p_signals p) (p_main p) (p_threads p) (p_mask_waits p) (p_handler_depth p) (p_returned p)
    (p_timers p) (p_wait_event p) (p_exit_status p) (p_exit_signal p) (p_calls p).
Definition set_event p ev : Process :=
  mkProcess (p_pid p) (p_ruid p) (p_state p) (p_signals p) (p_main p) (p_threads p) (p_mask_waits p) (p_handler_depth p) (p_returned p)
    (p_timers p) (Some ev) (p_exit_status p) (p_exit_signal p) (p_calls p).
Definition set_exit p status sig : Process :=
  mkProcess (p_pid p) (p_ruid p) (p_state p) (p_signals p) (p_main p) (p_threads p) (p_mask_waits p) (p_handler_depth p) (p_returned p)
    (p_timers p) (p_wait_event p) status sig (p_calls p).
Definition call p c : Process :=
  mkProcess (p_pid p) (p_ruid p) (p_state p) (p_signals p) (p_main p) (p_threads p) (p_mask_waits p) (p_handler_depth p) (p_returned p)
    (p_timers p) (p_wait_event p) (p_exit_status p) (p_exit_signal p) (p_calls p ++ [c]).
End Setters.

(** Fields of Signal.v's records this file replaces. *)
Definition set_blocked (st : SignalState) (m : Z) : SignalState :=
  mkSignals (readiness_generation st) (actions st) m (shared_pending st).
Definition set_thread_blocked (t : PerThreadSignalState) (m : Z) : PerThreadSignalState :=
  mkThread (thread_generation t) m (thread_pending t) (mask_waits t) (caught_handler_depth t) (returned_handler_depths t).
Definition set_thread_frames (t : PerThreadSignalState) ws d rs : PerThreadSignalState :=
  mkThread (thread_generation t) (thread_blocked t) (thread_pending t) ws d rs.

Section Methods.
Implicit Types (p : Process) (tid signum : Z).

(** ** Threads *)

Definition is_main_thread p tid : bool := (tid =? 0) || (tid =? p_pid p).
Definition get_thread p tid : option PerThreadSignalState :=
  option_map snd (List.find (fun t => fst t =? tid) (p_threads p)).
(** [get_thread_mut] followed by an assignment. *)
Definition update_thread p tid (f : PerThreadSignalState -> PerThreadSignalState) : Process :=
  set_threads p (update_first (fun t => fst t =? tid) (fun t => (fst t, f (snd t))) (p_threads p)).
Definition is_running_or_stopped p : bool := match p_state p with Running | Stopped => true | _ => false end.
Definition is_live_explicit_tid p tid : bool :=
  negb (p_pid p =? 1) && is_running_or_stopped p && negb (tid =? 0)
  && ((tid =? p_pid p) || match get_thread p tid with Some _ => true | None => false end).
Definition known_thread p tid : bool :=
  is_main_thread p tid || match get_thread p tid with Some _ => true | None => false end.

Definition add_allocated_thread p tid : Process := set_threads p (p_threads p ++ [(tid, new_thread)]).
Definition remove_thread p tid : Process * option PerThreadSignalState :=
  let p := call p (EpollFinishWait tid) in
  match position (fun t => fst t =? tid) (p_threads p) with
  | Some i =>
      let p := if negb (pending (shared_pending (p_signals p)) =? 0) then call p NoteSignalGenerated else p in
      (set_threads p (swap_remove i (p_threads p)), option_map snd (p_threads p !! i))
  | None => (p, None)
  end.
Definition clear_threads p : Process := set_threads p [].

(** ** Masks and pending sets *)

Definition blocked_for p tid : Z :=
  if is_main_thread p tid then blocked (p_signals p)
  else match get_thread p tid with Some t => thread_blocked t | None => u64_max end.

Definition set_blocked_for p tid (new_blocked : Z) : Process * bool :=
  if negb (known_thread p tid) then (p, false)
  else
    let old_blocked := blocked_for p tid in
    let p' := if is_main_thread p tid then set_sig p (set_blocked (p_signals p) new_blocked)
              else update_thread p tid (fun t => set_thread_blocked t new_blocked) in
    (if negb (Z.land (Z.lxor old_blocked new_blocked) (pending (shared_pending (p_signals p'))) =? 0)
     then call p' NoteSignalGenerated else p', true).

Definition signal_readiness_generations p tid : Z * Z :=
  (readiness_generation (p_signals p),
   if is_main_thread p tid then thread_generation (p_main p)
   else match get_thread p tid with Some t => thread_generation t | None => 0 end).

Definition shared_bits p : Z := pending (shared_pending (p_signals p)).
Definition thread_bits (t : PerThreadSignalState) : Z := pending (thread_pending t).
Definition pending_for p tid : Z :=
  if is_main_thread p tid then Z.lor (shared_bits p) (thread_bits (p_main p))
  else match get_thread p tid with Some t => Z.lor (shared_bits p) (thread_bits t) | None => 0 end.

Definition out_of_range signum : bool := (signum =? 0) || (NSIG <=? signum).
Definition has_bit (x signum : Z) : bool := negb (Z.land x (sig_bit signum) =? 0).

Definition signal_pending_for p tid signum : bool :=
  if out_of_range signum then false
  else if negb (is_main_thread p tid) && match get_thread p tid with Some _ => false | None => true end then false
  else
    let shared := has_bit (shared_bits p) signum in
    if is_main_thread p tid then shared || has_bit (thread_bits (p_main p)) signum
    else shared || match get_thread p tid with Some t => has_bit (thread_bits t) signum | None => false end.

Definition signal_pending_anywhere p signum : bool :=
  if out_of_range signum then false
  else has_bit (shared_bits p) signum || has_bit (thread_bits (p_main p)) signum
       || existsb (fun t => has_bit (thread_bits (snd t)) signum) (p_threads p).

Definition pick_thread_for_shared_signal p signum : option Z :=
  if negb (is_live_explicit_tid p (p_pid p)) || out_of_range signum then None
  else if negb (has_bit (blocked (p_signals p)) signum) then Some (p_pid p)
  else option_map fst (List.find (fun t => negb (has_bit (thread_blocked (snd t)) signum)) (p_threads p)).

Definition tids_accepting p signum : list Z :=
  if out_of_range signum then []
  else (if negb (has_bit (blocked (p_signals p)) signum) then [p_pid p] else [])
       ++ map fst (List.filter (fun t => negb (has_bit (thread_blocked (snd t)) signum)) (p_threads p)).

Definition deliverable_for p tid : Z := Z.ldiff (pending_for p tid) (blocked_for p tid).

Definition next_deliverable_signal p tid : option Z :=
  if negb (known_thread p tid) then None
  else if bool_decide (p_state p = Stopped) then if signal_pending_anywhere p SIGKILL then Some SIGKILL else None
  else
    let deliverable := deliverable_for p tid in
    if deliverable =? 0 then None
    else let signum := trailing_zeros deliverable + 1 in if signum <? NSIG then Some signum else None.

Definition should_restart_for p tid : bool :=
  let deliverable := deliverable_for p tid in
  if deliverable =? 0 then false
  else
    let signum := trailing_zeros deliverable + 1 in
    if NSIG <=? signum then false else has_flag (flags (get_action (p_signals p) signum)) SA_RESTART.

(** ** Job control and exit *)

Definition set_wait_event p (mask status code st : Z) : Process :=
  set_event (call p NoteChildrenChanged) (mkEvent mask status code st (p_ruid p)).

Definition record_stop p signum : Process * bool :=
  if negb (bool_decide (p_state p = Running)) then (p, false)
  else (call (set_wait_event (set_state p Stopped) EVENT_STOPPED (Z.lor (as_i32 (Z.shiftl signum 8)) 127) CLD_STOPPED signum)
          (PushProcessStopped (p_pid p)), true).

Definition record_continue p : Process * bool :=
  if negb (bool_decide (p_state p = Stopped)) then (p, false)
  else (call (set_wait_event (set_state p Running) EVENT_CONTINUED 65535 CLD_CONTINUED SIGCONT)
          (PushProcessContinued (p_pid p)), true).

Definition is_over p : bool := match p_state p with Exited | Limbo => true | _ => false end.
Definition record_normal_exit p (status : Z) : Process * bool :=
  if is_over p then (p, false)
  else
    let status := Z.land status 255 in
    let p := call (set_state p Exited) (RetireParks (p_pid p)) in
    let p := set_wait_event (set_exit p status 0) EVENT_EXITED (Z.shiftl status 8) CLD_EXITED status in
    (call (call p (QueueProcessExit (p_pid p))) (NoteChildExited (p_pid p)), true).
Definition record_signal_exit p signum : Process * bool :=
  if is_over p then (p, false)
  else
    let signum := Z.land signum 127 in
    let p := call (set_state p Exited) (RetireParks (p_pid p)) in
    let p := set_wait_event (set_exit p 0 signum) EVENT_EXITED signum CLD_KILLED signum in
    (call (call p (QueueProcessExit (p_pid p))) (NoteChildExited (p_pid p)), true).

(** ** Generation *)

Definition clear_directed_signal p signum : Process :=
  let p := set_main p (thread_clear_pending (p_main p) signum) in
  set_threads p (map (fun t => (fst t, thread_clear_pending (snd t) signum)) (p_threads p)).
Definition clear_signal_everywhere p signum : Process :=
  clear_directed_signal (set_sig p (clear_pending (p_signals p) signum)) signum.

Definition is_stop_signal signum : bool :=
  (signum =? SIGSTOP) || (signum =? SIGTSTP) || (signum =? SIGTTIN) || (signum =? SIGTTOU).
Definition prepare_signal_generation p signum : Process :=
  if out_of_range signum then p
  else
    let p := call p NoteSignalGenerated in
    if signum =? SIGCONT
    then fst (record_continue (fold_left clear_signal_everywhere [SIGSTOP; SIGTSTP; SIGTTIN; SIGTTOU] p))
    else if is_stop_signal signum then clear_signal_everywhere p SIGCONT else p.

Definition raise_signal_with_metadata p signum (value code sender_pid sender_uid : Z) : Process * bool :=
  let p := prepare_signal_generation p signum in
  let '(st, b) := raise_internal (p_signals p) signum value code sender_pid sender_uid in
  (set_sig p st, b).
Definition raise_signal p signum : Process * bool := raise_signal_with_metadata p signum 0 0 0 0.
Definition raise_signal_with_value p signum (value : Z) : Process * bool :=
  raise_signal_with_metadata p signum value (-1) 0 0.

(** The directed generations: guards, then the thread's queue. *)
Definition raise_directed p tid signum (f : PerThreadSignalState -> PerThreadSignalState * bool) : Process * bool :=
  if out_of_range signum then (p, false)
  else if negb (known_thread p tid) then (p, false)
  else
    let p := prepare_signal_generation p signum in
    if should_discard_pending signum (get_handler (p_signals p) signum) then (p, true)
    else if is_main_thread p tid then let '(t, b) := f (p_main p) in (set_main p t, b)
    else match get_thread p tid with
         | Some t => (update_thread p tid (fun t => fst (f t)), snd (f t))
         | None => (p, false)
         end.
Definition raise_for_thread_with_metadata p tid signum (value code sender_pid sender_uid : Z) : Process * bool :=
  raise_directed p tid signum (fun t => thread_raise_internal t signum value code sender_pid sender_uid).
Definition raise_for_thread p tid signum : Process * bool := raise_for_thread_with_metadata p tid signum 0 0 0 0.
Definition raise_for_thread_with_value p tid signum (value : Z) : Process * bool :=
  raise_for_thread_with_metadata p tid signum value (-1) 0 0.
Definition raise_timer_for_thread p tid signum (value timer : Z) : Process * bool :=
  raise_directed p tid signum (fun t => thread_raise_timer t signum value timer).

Definition raise_process_timer p signum (value timer : Z) : Process * bool :=
  if out_of_range signum then (p, false)
  else
    let p := prepare_signal_generation p signum in
    let '(st, b) := raise_timer (p_signals p) signum value timer in
    (set_sig p st, b).

(** ** Consumption *)

Definition consume_signal_for p tid signum : Process * option PendingSignalInfo :=
  if negb (known_thread p tid) then (p, None)
  else
    let shared := 
      if negb (has_bit (shared_bits p) signum) then (p, None)
      else let '(st, info) := consume_one (p_signals p) signum in (set_sig p st, Some info) in
    if is_main_thread p tid then
      if thread_is_pending (p_main p) signum
      then let '(t, info) := thread_consume_one_info (p_main p) signum in (set_main p t, Some info)
      else shared
    else match get_thread p tid with
         | Some t =>
             if thread_is_pending t signum
             then (update_thread p tid (fun t => fst (thread_consume_one_info t signum)), Some (snd (thread_consume_one_info t signum)))
             else shared
         | None => shared
         end.

Definition accept_posix_timer_notification p (timer : Z) : Process * option Z :=
  match mjoin (p_timers p !! Z.to_nat timer) with
  | None => (p, None)
  | Some t =>
      if negb (notification_pending t) then (p, None)
      else (set_timers p (<[Z.to_nat timer := Some (mkTimer (sigev_signo t) false 0 (overrun_current t))]> (p_timers p)),
            Some (overrun_current t))
  end.

Definition note_legacy_posix_timer_interval_fire p (timer : Z) : Process * bool :=
  match mjoin (p_timers p !! Z.to_nat timer) with
  | None => (p, false)
  | Some t =>
      if out_of_range (sigev_signo t) then (p, false)
      else
        let pend := has_bit (shared_bits p) (sigev_signo t) in
        let last := if pend then Z.min i32_max (overrun_last t + 1) else 0 in
        (set_timers p (<[Z.to_nat timer := Some (mkTimer (sigev_signo t) (notification_pending t) (overrun_current t) last)]> (p_timers p)), pend)
  end.

Definition timers_of (pd : Pending) signum : list Z :=
  omap timer_id (List.filter (of_signal signum) (rt_queue pd)).
Definition discard_pending_signal p signum : Process :=
  let timers := timers_of (shared_pending (p_signals p)) signum ++ timers_of (thread_pending (p_main p)) signum
                ++ flat_map (fun t => timers_of (thread_pending (snd t)) signum) (p_threads p) in
  fold_left (fun p t => fst (accept_posix_timer_notification p t)) timers (clear_signal_everywhere p signum).

Definition remove_posix_timer_notification p (timer : Z) : Process * bool :=
  let '(st, r1) := remove_timer_notification (p_signals p) timer in
  let '(m, r2) := thread_remove_timer_notification (p_main p) timer in
  let rs := map (fun t => thread_remove_timer_notification (snd t) timer) (p_threads p) in
  (set_threads (set_main (set_sig p st) m) (map (fun t => (fst t, fst (thread_remove_timer_notification (snd t) timer))) (p_threads p)),
   r1 || r2 || existsb snd rs).

(** ** Temporary masks *)

Definition mask_waits_for p tid : option (list SignalMaskWaitContext) :=
  if is_main_thread p tid then Some (p_mask_waits p) else option_map mask_waits (get_thread p tid).
Definition caught_handler_depth_for p tid : Z :=
  if is_main_thread p tid then p_handler_depth p
  else match get_thread p tid with Some t => caught_handler_depth t | None => 0 end.
Definition returned_handler_depths_for p tid : option (list Z) :=
  if is_main_thread p tid then Some (p_returned p) else option_map returned_handler_depths (get_thread p tid).
Definition mask_wait_depth_for p tid : nat := match mask_waits_for p tid with Some ws => length ws | None => 0%nat end.

(** The assignments through [.._for_mut]: nothing for an unknown thread. *)
Definition set_mask_waits_for p tid ws : Process :=
  if is_main_thread p tid then set_frames p ws (p_handler_depth p) (p_returned p)
  else update_thread p tid (fun t => set_thread_frames t ws (caught_handler_depth t) (returned_handler_depths t)).
Definition set_caught_handler_depth_for p tid (d : Z) : Process :=
  if is_main_thread p tid then set_frames p (p_mask_waits p) d (p_returned p)
  else update_thread p tid (fun t => set_thread_frames t (mask_waits t) d (returned_handler_depths t)).
Definition set_returned_for p tid (rs : list Z) : Process :=
  if is_main_thread p tid then set_frames p (p_mask_waits p) (p_handler_depth p) rs
  else update_thread p tid (fun t => set_thread_frames t (mask_waits t) (caught_handler_depth t) rs).

Definition with_state (w : SignalMaskWaitContext) (s : SignalMaskWaitState) : SignalMaskWaitContext :=
  mkWait (saved_mask w) (replacement_mask w) (kind w) s.

Definition reusable p tid (k : SignalMaskWaitKind) (m : Z) (w : SignalMaskWaitContext) : bool :=
  bool_decide (kind w = k) && (replacement_mask w =? m) && (blocked_for p tid =? replacement_mask w)
  && match wait_state w with
     | Active => true
     | Interrupted d => caught_handler_depth_for p tid <? d
     end.

Definition enter_signal_mask_wait_for p tid (k : SignalMaskWaitKind) (new_mask : Z) : Process :=
  match mask_waits_for p tid with
  | None => p
  | Some ws =>
      match last ws with
      | Some w =>
          if reusable p tid k new_mask w
          then set_mask_waits_for p tid (removelast ws ++ [with_state w Active])
          else fst (set_blocked_for (set_mask_waits_for p tid (ws ++ [mkWait (blocked_for p tid) new_mask k Active])) tid new_mask)
      | None => fst (set_blocked_for (set_mask_waits_for p tid (ws ++ [mkWait (blocked_for p tid) new_mask k Active])) tid new_mask)
      end
  end.

Definition finish_signal_mask_wait_for p tid (k : SignalMaskWaitKind) : Process * bool :=
  match mask_waits_for p tid with
  | None => (p, false)
  | Some ws =>
      match last ws with
      | Some w =>
          if bool_decide (kind w = k) && bool_decide (wait_state w = Active)
          then (fst (set_blocked_for (set_mask_waits_for p tid (removelast ws)) tid (saved_mask w)), true)
          else (p, false)
      | None => (p, false)
      end
  end.

Definition finish_matching_signal_mask_retry_for p tid (k : SignalMaskWaitKind) (m : Z) : Process * bool :=
  let matching :=
    match mask_waits_for p tid with
    | Some ws =>
        match last ws with
        | Some w => bool_decide (kind w = k) && (replacement_mask w =? m) && bool_decide (wait_state w = Active)
        | None => false
        end
    | None => false
    end in
  if matching && (blocked_for p tid =? m) then finish_signal_mask_wait_for p tid k else (p, false).

Definition return_from_caught_handler_for p tid : Process * bool :=
  let depth := caught_handler_depth_for p tid in
  if depth =? 0 then (p, false)
  else
    let p := set_caught_handler_depth_for p tid (depth - 1) in
    (match returned_handler_depths_for p tid with Some rs => set_returned_for p tid (rs ++ [depth]) | None => p end, true).

Definition acknowledge_caught_handler_mask_restore_for p tid : Process :=
  match returned_handler_depths_for p tid with Some rs => set_returned_for p tid (removelast rs) | None => p end.

Definition cancel_signal_mask_wait_for p tid : Process * bool :=
  let current_depth := caught_handler_depth_for p tid in
  match returned_handler_depths_for p tid with
  | Some rs =>
      match last rs with
      | Some depth =>
          let p := set_returned_for p tid (removelast rs) in
          match mask_waits_for p tid with
          | Some ws =>
              match last ws with
              | Some w =>
                  if bool_decide (wait_state w = Interrupted depth) then (set_mask_waits_for p tid (removelast ws), true) else (p, false)
              | None => (p, false)
              end
          | None => (p, false)
          end
      | None =>
          match mask_waits_for p tid with
          | Some ws =>
              match last ws with
              | Some w =>
                  let eligible := match wait_state w with
                                  | Active => true
                                  | Interrupted d => d =? saturating_add u32_max current_depth 1
                                  end in
                  if eligible
                  then (fst (set_blocked_for (set_mask_waits_for p tid (removelast ws)) tid (saved_mask w)), true)
                  else (p, false)
              | None => (p, false)
              end
          | None => (p, false)
          end
      end
  | None => (p, false)
  end.

Definition install_caught_handler_mask_for p tid (action_mask signum : Z) : Process * Z :=
  let base := blocked_for p tid in
  let depth := saturating_add u32_max (caught_handler_depth_for p tid) 1 in
  let p := set_caught_handler_depth_for p tid depth in
  let '(p, restore) :=
    match mask_waits_for p tid with
    | Some ws =>
        match last ws with
        | Some w =>
            if bool_decide (wait_state w = Active) then
              if bool_decide (kind w = EpollPwait) then (set_mask_waits_for p tid (removelast ws), saved_mask w)
              else (set_mask_waits_for p tid (removelast ws ++ [with_state w (Interrupted depth)]), base)
            else (p, base)
        | None => (p, base)
        end
    | None => (p, base)
    end in
  (fst (set_blocked_for p tid (Z.lor (Z.lor base action_mask) (sig_bit signum))), restore).

(** ** Parks and signal waits *)

Definition is_ignored p signum : bool :=
  match handler (get_action (p_signals p) signum) with
  | Ignore => true
  | Default => match default_action signum with DefaultIgnore | DefaultContinue => true | _ => false end
  | Handler _ => false
  end.
(** The loop over [1..NSIG]. *)
Definition ignored_signals p : Z :=
  fold_left (fun m s => if is_ignored p s then Z.lor m (sig_bit s) else m) (seqZ 1 64) 0.

(** [while shared != 0 { .. shared &= shared - 1 }]. *)
Fixpoint shared_targets (fuel : nat) p tid (shared : Z) : bool :=
  match fuel with
  | O => false
  | S fuel =>
      if shared =? 0 then false
      else if bool_decide (pick_thread_for_shared_signal p (trailing_zeros shared + 1) = Some tid) then true
      else shared_targets fuel p tid (Z.land shared (shared - 1))
  end.

Definition signal_targets_task p tid : bool :=
  if bool_decide (p_state p = Stopped) then false
  else
    let blk := Z.lor (blocked_for p tid) (ignored_signals p) in
    let go directed := negb (Z.ldiff directed blk =? 0) || shared_targets 65 p tid (Z.ldiff (shared_bits p) blk) in
    if p_pid p =? tid then go (thread_bits (p_main p))
    else match get_thread p tid with Some t => go (thread_bits t) | None => false end.

Record TakenSignal : Type := mkTaken { taken_signum : Z; taken_value : Z; taken_code : Z; word_1 : Z; word_2 : Z }.
Definition take_signal_for p tid (mask : Z) : Process * option TakenSignal :=
  let pending_in_mask := Z.land (pending_for p tid) mask in
  if pending_in_mask =? 0 then (p, None)
  else
    let signum := trailing_zeros pending_in_mask + 1 in
    if NSIG <=? signum then (p, None)
    else match consume_signal_for p tid signum with
         | (p, None) => (p, None)
         | (p, Some info) =>
             match info_timer info with
             | Some timer =>
                 let '(p, over) := accept_posix_timer_notification p timer in
                 (p, Some (mkTaken signum (info_value info) (info_code info) (as_i32 timer) (default 0 over)))
             | None => (p, Some (mkTaken signum (info_value info) (info_code info) (as_i32 (info_pid info)) (as_i32 (info_uid info))))
             end
         end.

(** ** Dispositions (syscalls.rs) *)

Definition SIG_DFL : Z := 0.
Definition SIG_IGN : Z := 1.
Definition handler_of_value (v : Z) : SignalHandler :=
  if v =? SIG_DFL then Default else if v =? SIG_IGN then Ignore else Handler v.
Definition value_of_handler (h : SignalHandler) : Z :=
  match h with Default => SIG_DFL | Ignore => SIG_IGN | Handler v => v end.
Definition sys_sigaction p signum (handler_val fl m : Z) : Process * result (Z * Z * Z) :=
  if out_of_range signum then (p, Err EINVAL)
  else if (signum =? SIGKILL) || (signum =? SIGSTOP) then (p, Err EINVAL)
  else
    let h := handler_of_value handler_val in
    let p := if should_discard_pending signum h then discard_pending_signal p signum else p in
    match set_action (p_signals p) signum (mkAction h fl m) with
    | (st, Some old) =>
        let p := set_sig p st in
        let p := if should_discard_pending signum h then clear_directed_signal p signum else p in
        (p, Ok (value_of_handler (handler old), flags old, mask old))
    | (_, None) => (p, Err EINVAL)
    end.
Definition sys_signal p signum (handler_val : Z) : Process * result Z :=
  if out_of_range signum || (signum =? SIGKILL) || (signum =? SIGSTOP) then (p, Err EINVAL)
  else
    let h := handler_of_value handler_val in
    let p := if should_discard_pending signum h then discard_pending_signal p signum else p in
    match set_handler (p_signals p) signum h with
    | (st, Some old) =>
        let p := set_sig p st in
        let p := if should_discard_pending signum h then clear_directed_signal p signum else p in
        (p, Ok (as_i32 (value_of_handler old)))
    | (_, None) => (p, Err EINVAL)
    end.
End Methods.

(** ** Which thread a signal reaches *)

Section Targets.
Implicit Types (p : Process) (tid s : Z).

Lemma has_bit_spec x s : valid s -> has_bit x s = Z.testbit x (s - 1).
Proof. intros H. unfold has_bit. rewrite land_sig_bit by done. apply negb_involutive. Qed.

Lemma out_of_range_valid s : valid s -> out_of_range s = false.
Proof. apply guard_valid. Qed.

(** The thread ids are distinct, and none is the process or zero; the pending
    sets are 64 bits wide. *)
Record wf_proc p : Prop := {
  wp_tids : NoDup (map fst (p_threads p));
  wp_foreign : Forall (fun t => fst t <> p_pid p /\ fst t <> 0) (p_threads p);
  wp_pid : p_pid p <> 0;
  wp_shared : mask64 (shared_bits p);
  wp_main : mask64 (thread_bits (p_main p));
  wp_threads : Forall (fun t => mask64 (thread_bits (snd t))) (p_threads p);
  wp_actions : length (actions (p_signals p)) = 65%nat }.

(** [x & (x - 1)] clears the lowest bit. *)
Lemma clear_lowest x j : mask64 x -> x <> 0 -> 0 <= j ->
  Z.testbit (Z.land x (x - 1)) j = Z.testbit x j && negb (j =? trailing_zeros x).
Proof.
  intros Hm Hx Hj. destruct (trailing_zeros_spec x Hm Hx) as (Hi & Hbit & Hlow). set (i := trailing_zeros x) in *.
  assert (Hdec : x = 2 ^ (i + 1) * (x / 2 ^ (i + 1)) + 2 ^ i).
  { pose proof (Z.div_mod x (2 ^ (i + 1)) ltac:(lia)) as Hd. rewrite Hd at 1. f_equal.
    apply Z.bits_inj_iff'. intros n Hn. rewrite Z.pow2_bits_eqb by lia.
    destruct (Z.eqb_spec i n) as [<-|Hne].
    - rewrite Z.mod_pow2_bits_low by lia. done.
    - destruct (Z.lt_ge_cases n (i + 1)); [rewrite Z.mod_pow2_bits_low by lia; apply Hlow; lia | apply Z.mod_pow2_bits_high; lia]. }
  set (h := x / 2 ^ (i + 1)) in *. assert (Hp : 2 ^ (i + 1) = 2 * 2 ^ i) by (rewrite Z.pow_add_r by lia; lia).
  assert (H0 : 0 < 2 ^ i) by lia.
  assert (Hq : (x - 1) / 2 ^ (i + 1) = h) by (symmetry; apply (Z.div_unique _ _ _ (2 ^ i - 1)); lia).
  rewrite Z.land_spec. destruct (Z.eqb_spec j i) as [->|Hne]; cbn [negb].
  - rewrite andb_false_r, Hbit. cbn [andb].
    replace (x - 1) with (2 ^ i - 1 + (2 * h) * 2 ^ i) by lia.
    rewrite <- (Z.mod_pow2_bits_low _ (i + 1)) by lia. rewrite Hp.
    replace ((2 ^ i - 1 + 2 * h * 2 ^ i) mod (2 * 2 ^ i)) with (2 ^ i - 1)
      by (apply (Z.mod_unique _ _ h); lia).
    rewrite Z.sub_1_r, <- Z.ones_equiv. apply Z.ones_spec_high. lia.
  - rewrite andb_true_r. destruct (Z.lt_ge_cases j i) as [Hlt|Hge]; [by rewrite Hlow by lia|].
    replace (Z.testbit (x - 1) j) with (Z.testbit x j); [apply andb_diag|].
    replace j with (j - (i + 1) + (i + 1)) by lia. rewrite <- !Z.div_pow2_bits by lia. fold h. by rewrite Hq.
Qed.

Lemma mask64_land x y : mask64 x -> mask64 (Z.land x y).
Proof.
  intros [H1 H2]. split; [apply Z.land_nonneg; auto|]. intros i. rewrite Z.land_spec. intros [Hi _]%andb_true_iff. auto.
Qed.

Lemma mask64_zero x : mask64 x -> (forall j, 0 <= j < 64 -> Z.testbit x j = false) -> x = 0.
Proof.
  intros [H1 H2] Hz. apply Z.bits_inj_0. intros n. destruct (Z.testbit x n) eqn:E; [|done].
  rewrite <- E. apply Hz. by apply H2.
Qed.

Lemma mask64_nonzero x : mask64 x -> x <> 0 <-> exists s, valid s /\ Z.testbit x (s - 1) = true.
Proof.
  intros Hm. split.
  - intros Hx. destruct (trailing_zeros_spec x Hm Hx) as (Hi & Hbit & _).
    exists (trailing_zeros x + 1). split; [unfold valid; lia|]. by replace (trailing_zeros x + 1 - 1) with (trailing_zeros x) by lia.
  - intros (s & _ & Hb) ->. by rewrite Z.testbit_0_l in Hb.
Qed.

(** The loop over the shared signals finds one that picks the thread iff there
    is one; 64 rounds are enough. *)
Lemma shared_targets_spec p tid n x : mask64 x -> (forall j, 0 <= j < 64 - Z.of_nat n -> Z.testbit x j = false) ->
  shared_targets (S n) p tid x = true <->
  exists s, valid s /\ Z.testbit x (s - 1) = true /\ pick_thread_for_shared_signal p s = Some tid.
Proof.
  revert x. induction n as [|n IH]; intros x Hm Hlow.
  - assert (x = 0) as -> by (apply mask64_zero; [done|]; intros j Hj; apply Hlow; lia).
    cbn. split; [done|]. intros (s & _ & Hb & _). by rewrite Z.testbit_0_l in Hb.
  - remember (S n) as n' eqn:En. cbn [shared_targets]. destruct (Z.eqb_spec x 0) as [->|Hx].
    { split; [done|]. intros (s & _ & Hb & _). by rewrite Z.testbit_0_l in Hb. }
    destruct (trailing_zeros_spec x Hm Hx) as (Hi & Hbit & Hl).
    case_bool_decide as Hp.
    { split; [|done]. intros _. exists (trailing_zeros x + 1). split; [unfold valid; lia|]. split; [|done].
      by replace (trailing_zeros x + 1 - 1) with (trailing_zeros x) by lia. }
    subst n'. rewrite IH; [|by apply mask64_land|].
    + split; intros (s & Hv & Hb & Hpk); exists s; split_and!; auto; unfold valid in Hv.
      * rewrite clear_lowest in Hb by (auto; lia). by apply andb_true_iff in Hb as [? _].
      * rewrite clear_lowest by (auto; lia). rewrite Hb. cbn [andb]. apply negb_true_iff, Z.eqb_neq. intros He.
        apply Hp. by replace (trailing_zeros x + 1) with s by lia.
    + intros j Hj. rewrite clear_lowest by (auto; lia). destruct (Z.eqb_spec j (trailing_zeros x)) as [->|Hne]; [apply andb_false_r|].
      destruct (Z.lt_ge_cases (trailing_zeros x) (64 - Z.of_nat (S n))) as [Hlt|Hge].
      { rewrite Hlow in Hbit by lia. done. }
      rewrite andb_true_r. apply Hl. lia.
Qed.

Lemma fold_bits_spec p (l : list Z) m s : valid s -> Forall valid l ->
  Z.testbit (fold_left (fun m s => if is_ignored p s then Z.lor m (sig_bit s) else m) l m) (s - 1) =
    Z.testbit m (s - 1) || existsb (fun x => (x =? s) && is_ignored p x) l.
Proof.
  intros Hv Hl. revert m. induction Hl as [|x l Hx Hl IH]; intros m; cbn [fold_left existsb]; [by rewrite orb_false_r|].
  rewrite IH. destruct (is_ignored p x); [|by rewrite andb_false_r].
  rewrite lor_sig_bit by done. rewrite andb_true_r, <- orb_assoc. do 2 f_equal.
  destruct (Z.eqb_spec (s - 1) (x - 1)), (Z.eqb_spec x s); try done; lia.
Qed.

Lemma ignored_signals_spec p s : valid s -> Z.testbit (ignored_signals p) (s - 1) = is_ignored p s.
Proof.
  intros Hv. unfold ignored_signals. rewrite fold_bits_spec; [|done|].
  2:{ apply List.Forall_forall. intros x Hx%list_elem_of_In%elem_of_seqZ. unfold valid. lia. }
  rewrite Z.testbit_0_l. cbn [orb]. destruct (is_ignored p s) eqn:E.
  - apply existsb_exists. exists s. rewrite Z.eqb_refl, E. split; [|done]. apply list_elem_of_In, elem_of_seqZ. unfold valid in Hv. lia.
  - apply not_true_iff_false. intros (x & _ & [Hx%Z.eqb_eq Hi]%andb_true_iff)%existsb_exists. subst x. congruence.
Qed.

(** The bits of signals directed at the thread. *)
Definition directed_bits p tid : option Z :=
  if p_pid p =? tid then Some (thread_bits (p_main p)) else option_map thread_bits (get_thread p tid).

Lemma get_thread_mask p tid t : wf_proc p -> get_thread p tid = Some t -> mask64 (thread_bits t).
Proof.
  intros H Hg. unfold get_thread in Hg. destruct (List.find _ _) as [[i t']|] eqn:E; [|done]. cbn in Hg. simplify_eq.
  apply find_some in E as [Hin _]. exact (proj1 (List.Forall_forall _ _) (wp_threads _ H) _ Hin).
Qed.

Lemma directed_mask p tid x : wf_proc p -> directed_bits p tid = Some x -> mask64 x.
Proof.
  intros H. unfold directed_bits. destruct (_ =? _); [intros [= <-]; apply H|].
  destruct (get_thread p tid) as [t|] eqn:E; [|done]. cbn. intros [= <-]. by eapply get_thread_mask.
Qed.

(** A pending signal targets the thread iff the process is not stopped and
    some signal, neither blocked by the thread nor ignored, is either directed
    at it or shared and picks it. *)
Lemma targets_spec p tid : wf_proc p ->
  signal_targets_task p tid = true <->
  p_state p <> Stopped /\ exists x s, directed_bits p tid = Some x /\ valid s /\
    Z.testbit (blocked_for p tid) (s - 1) = false /\ is_ignored p s = false /\
    (Z.testbit x (s - 1) = true \/ Z.testbit (shared_bits p) (s - 1) = true /\ pick_thread_for_shared_signal p s = Some tid).
Proof.
  intros H. unfold signal_targets_task. case_bool_decide as Hst; [split; [done|]; by intros [? _]|].
  set (blk := Z.lor (blocked_for p tid) (ignored_signals p)).
  assert (Hgo : forall x, mask64 x -> negb (Z.ldiff x blk =? 0) || shared_targets 65 p tid (Z.ldiff (shared_bits p) blk) = true <->
    exists s, valid s /\ Z.testbit (blocked_for p tid) (s - 1) = false /\ is_ignored p s = false /\
    (Z.testbit x (s - 1) = true \/ Z.testbit (shared_bits p) (s - 1) = true /\ pick_thread_for_shared_signal p s = Some tid)).
  { intros x Hx. rewrite orb_true_iff, negb_true_iff, Z.eqb_neq, mask64_nonzero by by apply mask64_ldiff.
    rewrite shared_targets_spec by (first [apply mask64_ldiff, H | intros j Hj; lia]).
    assert (Hb : forall y s, valid s -> Z.testbit (Z.ldiff y blk) (s - 1) = true <->
      Z.testbit y (s - 1) = true /\ Z.testbit (blocked_for p tid) (s - 1) = false /\ is_ignored p s = false).
    { intros y s Hv. unfold blk. rewrite Z.ldiff_spec, Z.lor_spec, ignored_signals_spec, andb_true_iff, negb_true_iff, orb_false_iff by done. done. }
    split.
    - intros [(s & Hv & Hs)|(s & Hv & Hs & Hp)]; apply Hb in Hs as (? & ? & ?); auto; exists s; split_and!; auto.
    - intros (s & Hv & ? & ? & [?|[? ?]]); [left|right]; exists s; rewrite Hb by done; auto. }
  unfold directed_bits. destruct (p_pid p =? tid).
  - rewrite Hgo by apply H. split; [|by intros (_ & x & s & [= <-] & ?); exists s].
    intros (s & Hs). split; [done|]. by exists (thread_bits (p_main p)), s.
  - destruct (get_thread p tid) as [t|] eqn:Eg; [|split; [done|by intros (_ & x & s & [=] & _)]].
    rewrite Hgo by by eapply get_thread_mask. split; [|by intros (_ & x & s & [= <-] & ?); exists s].
    intros (s & Hs). split; [done|]. by exists (thread_bits t), s.
Qed.
End Targets.

Section Picking.
Implicit Types (p : Process) (tid s : Z).

Lemma find_head_filter {A} (f : A -> bool) (l : list A) : List.find f l = head (List.filter f l).
Proof. induction l as [|x l IH]; [done|]. cbn [List.find List.filter]. by destruct (f x). Qed.

Lemma pick_is_first_accepting p s : is_live_explicit_tid p (p_pid p) = true ->
  pick_thread_for_shared_signal p s = head (tids_accepting p s).
Proof.
  intros Hl. unfold pick_thread_for_shared_signal, tids_accepting. rewrite Hl. cbn [negb orb].
  destruct (out_of_range s); [done|]. destruct (negb (has_bit (blocked (p_signals p)) s)); [done|]. cbn [app].
  rewrite find_head_filter. by destruct (List.filter _ _).
Qed.

Lemma get_thread_in p i t : wf_proc p -> In (i, t) (p_threads p) -> get_thread p i = Some t.
Proof.
  intros H Hin. unfold get_thread. pose proof (wp_tids _ H) as Hn. induction (p_threads p) as [|[j u] l IH]; [done|].
  cbn [List.find fst map] in *. apply NoDup_cons in Hn as [Hni Hn]. destruct Hin as [[= -> ->]|Hin].
  - by rewrite Z.eqb_refl.
  - destruct (Z.eqb_spec j i) as [->|Hne]; [|by apply IH].
    exfalso. apply Hni, list_elem_of_In. by apply (in_map fst) in Hin.
Qed.

Lemma accepting_unblocked p s tid : wf_proc p -> valid s -> In tid (tids_accepting p s) ->
  Z.testbit (blocked_for p tid) (s - 1) = false /\ directed_bits p tid <> None.
Proof.
  intros H Hv. unfold tids_accepting. rewrite out_of_range_valid by done. rewrite in_app_iff.
  unfold blocked_for, directed_bits, is_main_thread. intros [Hin|Hin].
  - destruct (has_bit _ _) eqn:E; cbn [negb] in Hin; [destruct Hin|]. destruct Hin as [<-|[]].
    rewrite Z.eqb_refl, orb_true_r. by rewrite <- has_bit_spec.
  - apply in_map_iff in Hin as ([i t] & <- & [Hin Hb%negb_true_iff]%filter_In). cbn [fst snd] in *.
    pose proof (proj1 (List.Forall_forall _ _) (wp_foreign _ H) _ Hin) as [H1 H2]. cbn [fst] in *.
    rewrite (proj2 (Z.eqb_neq i 0)), (proj2 (Z.eqb_neq i (p_pid p))), (proj2 (Z.eqb_neq (p_pid p) i)) by lia. cbn [orb].
    rewrite (get_thread_in p i t) by done. cbn. by rewrite <- has_bit_spec.
Qed.
End Picking.

(** ** Steps *)

Section Steps.
Implicit Types (p : Process) (tid s : Z).

(** How often the parks were told that a signal may now target one of them. *)
Definition is_note (c : Call) : bool := match c with NoteSignalGenerated => true | _ => false end.
Definition notes p : nat := length (List.filter is_note (p_calls p)).

Lemma notes_call p c : notes (call p c) = (notes p + if is_note c then 1 else 0)%nat.
Proof. unfold notes. cbn [call p_calls]. rewrite List.filter_app, length_app. by destruct c. Qed.

(** The task would be interrupted by the next sweep. *)
(** The signal is pending for the process or for one of its threads. *)
Definition pends p s : Prop :=
  Z.testbit (shared_bits p) (s - 1) = true \/ Z.testbit (thread_bits (p_main p)) (s - 1) = true \/
  exists t, In t (p_threads p) /\ Z.testbit (thread_bits (snd t)) (s - 1) = true.

Definition interrupts p tid : bool := is_live_explicit_tid p tid && signal_targets_task p tid.

Definition subset (x y : Z) : Prop := forall j, Z.testbit x j = true -> Z.testbit y j = true.
#[global] Instance subset_preorder : PreOrder subset.
Proof. split; unfold subset; [auto | intros x y z H1 H2 j Hj; auto]. Qed.

(** What a thread keeps when only its pending signals, or its frames, change. *)
Definition thread_le (t t' : ThreadInfo) : Prop :=
  fst t' = fst t /\ thread_blocked (snd t') = thread_blocked (snd t) /\ subset (thread_bits (snd t')) (thread_bits (snd t)).
#[local] Instance thread_le_refl : Reflexive thread_le.
Proof. intros t. by split_and!. Qed.
#[local] Instance thread_le_trans : Transitive thread_le.
Proof. intros x y z (?&?&?) (?&?&?). split_and!; [congruence..|]. by etrans. Qed.

(** [p'] has at most the pending signals of [p], the same masks and the same
    dispositions, and the state of [p] or none in which it is interrupted. *)
Record proc_le p p' : Prop := {
  le_pid : p_pid p' = p_pid p;
  le_state : p_state p' = p_state p \/ p_state p' = Stopped \/ is_over p' = true;
  le_actions : actions (p_signals p') = actions (p_signals p);
  le_blocked : blocked (p_signals p') = blocked (p_signals p);
  le_shared : subset (shared_bits p') (shared_bits p);
  le_main : subset (thread_bits (p_main p')) (thread_bits (p_main p));
  le_threads : Forall2 thread_le (p_threads p) (p_threads p') }.

Lemma threads_le_get p p' tid : Forall2 thread_le (p_threads p) (p_threads p') ->
  match get_thread p tid, get_thread p' tid with
  | Some t, Some t' => thread_blocked t' = thread_blocked t /\ subset (thread_bits t') (thread_bits t)
  | None, None => True
  | _, _ => False
  end.
Proof.
  unfold get_thread. induction 1 as [|[i t] [i' t'] l l' Ht Hl IH]; [done|]. destruct Ht as (Hi & Hb & Hs).
  cbn [List.find fst snd] in *. subst i'. by destruct (i =? tid).
Qed.

Lemma get_action_eq p p' s : actions (p_signals p') = actions (p_signals p) ->
  get_action (p_signals p') s = get_action (p_signals p) s.
Proof. unfold get_action, action_at. by intros ->. Qed.

Lemma is_ignored_eq p p' s : actions (p_signals p') = actions (p_signals p) -> is_ignored p' s = is_ignored p s.
Proof. intros H. unfold is_ignored. by rewrite (get_action_eq p p' s H). Qed.

Lemma find_le f p p' : Forall2 thread_le (p_threads p) (p_threads p') ->
  option_map fst (List.find (fun t => negb (has_bit (thread_blocked (snd t)) f)) (p_threads p')) =
  option_map fst (List.find (fun t => negb (has_bit (thread_blocked (snd t)) f)) (p_threads p)).
Proof.
  induction 1 as [|t t' l l' (Hi & Hb & Hs) Hl IH]; [done|]. cbn [List.find]. rewrite Hb. destruct (negb _); [cbn; congruence | done].
Qed.

Lemma directed_pends p tid x s : wf_proc p -> directed_bits p tid = Some x -> Z.testbit x (s - 1) = true -> pends p s.
Proof.
  intros H Hd Hs. unfold directed_bits in Hd. destruct (p_pid p =? tid); [simplify_eq; right; by left|]. unfold get_thread in Hd.
  destruct (List.find _ _) as [t|] eqn:E; [|done]. simpl in Hd. simplify_eq. apply List.find_some in E as [Hin _]. right; right. by exists t.
Qed.

(** A process with no more pending signals, the same masks and the same
    state, in which every signal that is pending and not ignored was not
    ignored before. *)
Lemma interrupts_sub p p' tid : wf_proc p -> wf_proc p' -> p_pid p' = p_pid p ->
  p_state p' = p_state p \/ p_state p' = Stopped \/ is_over p' = true -> blocked (p_signals p') = blocked (p_signals p) ->
  subset (shared_bits p') (shared_bits p) -> subset (thread_bits (p_main p')) (thread_bits (p_main p)) ->
  Forall2 thread_le (p_threads p) (p_threads p') -> (forall s, valid s -> pends p' s -> is_ignored p' s = false -> is_ignored p s = false) ->
  interrupts p' tid = true -> interrupts p tid = true.
Proof.
  intros H H' E1 E2 E4 E5 E6 E7 Hact. unfold interrupts. rewrite !andb_true_iff.
  intros [Hl Ht]. apply targets_spec in Ht as (Hst & x & s & Hd & Hv & Hb & Hi & Hs); [|done].
  assert (Hsame : p_state p' = p_state p).
  { destruct E2 as [?|[?|Ho]]; [done|done|]. exfalso. clear - Hl Ho. unfold is_live_explicit_tid, is_running_or_stopped, is_over in *.
    destruct (p_state p'); try done; by rewrite !andb_false_r in Hl. }
  pose proof (threads_le_get p p' tid E7) as Hg.
  assert (Hlive : forall t, is_live_explicit_tid p' t = is_live_explicit_tid p t).
  { intros t. unfold is_live_explicit_tid, is_running_or_stopped. rewrite E1, Hsame.
    pose proof (threads_le_get p p' t E7) as Hgt. by destruct (get_thread p t), (get_thread p' t). }
  split; [by rewrite <- Hlive|]. apply targets_spec; [done|]. split; [by rewrite <- Hsame|].
  assert (Hblk : blocked_for p' tid = blocked_for p tid).
  { unfold blocked_for, is_main_thread. rewrite E1, E4. destruct (_ || _); [done|]. by destruct (get_thread p tid), (get_thread p' tid); try destruct Hg. }
  assert (Hpick : pick_thread_for_shared_signal p' s = pick_thread_for_shared_signal p s).
  { unfold pick_thread_for_shared_signal. rewrite E1, Hlive, E4. destruct (_ || _); [done|].
    destruct (negb (has_bit _ _)); [done|]. by apply find_le. }
  assert (exists y, directed_bits p tid = Some y /\ subset x y) as (y & Hy & Hsub).
  { unfold directed_bits in *. rewrite E1 in Hd. destruct (p_pid p =? tid); [simplify_eq; by eexists|].
    destruct (get_thread p tid), (get_thread p' tid); try done. cbn in *. simplify_eq. destruct Hg. by eexists. }
  assert (pends p' s) as Hpend by (destruct Hs as [Hs|[Hs _]]; [by eapply directed_pends|by left]).
  exists y, s. rewrite <- Hblk, <- Hpick. split_and!; auto. destruct Hs as [Hs|[Hs Hp]]; [left; auto | right; auto].
Qed.

Lemma interrupts_le p p' tid : wf_proc p -> wf_proc p' -> proc_le p p' -> interrupts p' tid = true -> interrupts p tid = true.
Proof.
  intros H H' [E1 E2 E3 E4 E5 E6 E7]. apply interrupts_sub; auto. intros s _ _. by rewrite (is_ignored_eq p p').
Qed.

(** *** What each kind of change keeps *)

Lemma subset_mask64 x y : subset x y -> mask64 y -> mask64 x.
Proof.
  intros Hs [Hy Hb]. split; [|intros i Hi; by apply Hb, Hs].
  apply Z.bits_iff_nonneg_ex. exists 64. intros m Hm. destruct (Z.testbit x m) eqn:E; [|done].
  apply Hs, Hb in E. lia.
Qed.

Lemma subset_ldiff x y : subset (Z.ldiff x y) x.
Proof. intros j. rewrite Z.ldiff_spec. by intros [? _]%andb_true_iff. Qed.

Lemma clear_if_gone_sub pd s : subset (pending (clear_if_gone pd s)) (pending pd).
Proof. unfold clear_if_gone. destruct (existsb _ _); [done|]. apply subset_ldiff. Qed.
Lemma consume_sub pd s : subset (pending (fst (consume_pending_info pd s))) (pending pd).
Proof.
  unfold consume_pending_info. destruct (_ || _); [done|].
  destruct (position _ _); cbn [fst]; apply (clear_if_gone_sub (mkPending (pending pd) _)).
Qed.
Lemma remove_timer_sub pd i : subset (pending (fst (remove_timer_info pd i))) (pending pd).
Proof.
  unfold remove_timer_info. destruct (List.find _ _); [|done]. cbn [fst]. apply (clear_if_gone_sub (mkPending (pending pd) _)).
Qed.
Lemma clear_signal_sub pd s : subset (pending (clear_signal pd s)) (pending pd).
Proof. unfold clear_signal. destruct (is_valid s); [apply subset_ldiff|done]. Qed.

Lemma proc_le_refl p : proc_le p p.
Proof. split; try done. by left. Qed.
Lemma proc_le_trans p q r : proc_le p q -> proc_le q r -> proc_le p r.
Proof.
  intros [A1 A2 A3 A4 A5 A6 A7] [B1 B2 B3 B4 B5 B6 B7]. split; try congruence; try by etrans.
  destruct B2 as [B2|[B2|B2]]; [|by right; left|by right; right].
  destruct A2 as [A2|[A2|A2]]; [left; congruence|right; left; congruence|right; right]. unfold is_over in *. by rewrite B2.
Qed.

Lemma tids_le p p' : Forall2 thread_le (p_threads p) (p_threads p') -> map fst (p_threads p') = map fst (p_threads p).
Proof. induction 1 as [|t t' l l' (Hi & _) Hl IH]; [done|]. cbn [map]. by rewrite Hi, IH. Qed.

Lemma wf_le p p' : wf_proc p -> proc_le p p' -> wf_proc p'.
Proof.
  intros [H1 H2 H3 H4 H5 H6 H7] [E1 E2 E3 E4 E5 E6 E7]. pose proof (tids_le p p' E7) as Ht. split.
  - by rewrite Ht.
  - apply (List.Forall_map fst (fun i => i <> p_pid p' /\ i <> 0)). rewrite Ht, E1. by apply List.Forall_map.
  - by rewrite E1.
  - by eapply subset_mask64.
  - by eapply subset_mask64.
  - clear - H6 E7. revert H6. induction E7 as [|t t' l l' (_ & _ & Hs) Hl IH]; intros H6; [constructor|].
    inversion H6; subst. constructor; [by eapply subset_mask64 | auto].
  - by rewrite E3.
Qed.

(** The two ids name one task. *)
Definition same_task p (a b : Z) : bool := (is_main_thread p a && is_main_thread p b) || (a =? b).

(** A change the task [actor] makes: it keeps the process well formed, forgets
    no call, and if the parks are not told then no other task becomes one the
    next sweep interrupts. *)
Record keeps (actor : Z) p p' : Prop := {
  k_wf : wf_proc p';
  k_pid : p_pid p' = p_pid p;
  k_notes : (notes p <= notes p')%nat;
  k_targets : notes p' = notes p -> forall tid, same_task p actor tid = false -> interrupts p' tid = true -> interrupts p tid = true }.

Lemma keeps_le actor p p' : wf_proc p -> proc_le p p' -> (notes p <= notes p')%nat -> keeps actor p p'.
Proof.
  intros H Hle Hn. pose proof (wf_le _ _ H Hle) as H'. split; auto; [apply Hle|].
  intros _ tid _. by apply interrupts_le.
Qed.

Lemma keeps_trans actor p q r : keeps actor p q -> keeps actor q r -> keeps actor p r.
Proof.
  intros [A1 A2 A3 A4] [B1 B2 B3 B4]. split; [done|congruence|lia|]. intros Hn tid Ht Hi. apply A4; [lia|done|].
  apply B4; [lia| |done]. unfold same_task, is_main_thread in *. by rewrite A2.
Qed.

Lemma keeps_noted actor p p' : wf_proc p' -> p_pid p' = p_pid p -> (notes p < notes p')%nat -> keeps actor p p'.
Proof. intros H E Hn. split; auto; [lia|]. intros; lia. Qed.

(** *** Changes that only take pending signals away, or change other fields *)

Definition fades p p' : Prop := proc_le p p' /\ notes p' = notes p.

Lemma fades_refl p : fades p p.
Proof. split; [apply proc_le_refl | done]. Qed.
Lemma fades_trans p q r : fades p q -> fades q r -> fades p r.
Proof. intros [A1 A2] [B1 B2]. split; [by eapply proc_le_trans | congruence]. Qed.
Lemma keeps_fades actor p p' : wf_proc p -> fades p p' -> keeps actor p p'.
Proof. intros H [Hle Hn]. apply keeps_le; auto. lia. Qed.

Lemma fades_main p t : subset (thread_bits t) (thread_bits (p_main p)) -> fades p (set_main p t).
Proof. intros Hs. split; [|done]. split; cbn; try done. by left. Qed.
Lemma fades_sig p st : actions st = actions (p_signals p) -> blocked st = blocked (p_signals p) ->
  subset (pending (shared_pending st)) (shared_bits p) -> fades p (set_sig p st).
Proof. intros Ha Hb Hs. split; [|done]. split; cbn; try done. by left. Qed.
Lemma fades_frames p ws d rs : fades p (set_frames p ws d rs).
Proof. split; [|done]. split; cbn; try done. by left. Qed.
Lemma fades_timers p ts : fades p (set_timers p ts).
Proof. split; [|done]. split; cbn; try done. by left. Qed.
Lemma fades_event p ev : fades p (set_event p ev).
Proof. split; [|done]. split; cbn; try done. by left. Qed.
Lemma fades_exit p a b : fades p (set_exit p a b).
Proof. split; [|done]. split; cbn; try done. by left. Qed.
Lemma fades_state p st : st = Stopped \/ st = Exited -> fades p (set_state p st).
Proof. intros Hst. split; [|done]. split; cbn; try done. right. by destruct Hst as [-> | ->]; [left | right]. Qed.
Lemma fades_call p c : is_note c = false -> fades p (call p c).
Proof. intros Hc. split; [|rewrite notes_call, Hc; lia]. split; cbn; try done. by left. Qed.
Lemma fades_threads p ts : Forall2 thread_le (p_threads p) ts -> fades p (set_threads p ts).
Proof. intros Hs. split; [|done]. split; cbn; try done. by left. Qed.

(** A change of one thread that keeps its mask and adds no pending signal. *)
Definition thread_fades (f : PerThreadSignalState -> PerThreadSignalState) : Prop :=
  forall t, thread_blocked (f t) = thread_blocked t /\ subset (thread_bits (f t)) (thread_bits t).

Lemma fades_update p tid f : thread_fades f -> fades p (update_thread p tid f).
Proof.
  intros Hf. apply fades_threads. induction (p_threads p) as [|t l IH]; cbn [update_first]; [constructor|].
  destruct (fst t =? tid); constructor; try done. split; [done|]. apply Hf.
Qed.
Lemma fades_map p f : thread_fades f -> fades p (set_threads p (map (fun t => (fst t, f (snd t))) (p_threads p))).
Proof.
  intros Hf. apply fades_threads. induction (p_threads p) as [|t l IH]; cbn [map]; constructor; [|done]. split; [done|]. apply Hf.
Qed.

Lemma thread_clear_fades s : thread_fades (fun t => thread_clear_pending t s).
Proof. intros t. split; [done|]. apply clear_signal_sub. Qed.
Lemma thread_consume_fades s : thread_fades (fun t => fst (thread_consume_one_info t s)).
Proof.
  intros t. unfold thread_consume_one_info, thread_bits. pose proof (consume_sub (thread_pending t) s) as Hs.
  destruct (consume_pending_info _ _). by split.
Qed.
Lemma thread_remove_timer_fades i : thread_fades (fun t => fst (thread_remove_timer_notification t i)).
Proof.
  intros t. unfold thread_remove_timer_notification, thread_bits. pose proof (remove_timer_sub (thread_pending t) i) as Hs.
  destruct (remove_timer_info _ _). by split.
Qed.

#[local] Hint Resolve fades_refl thread_clear_fades thread_consume_fades thread_remove_timer_fades fades_map fades_update
  fades_timers fades_event fades_exit fades_frames clear_signal_sub consume_sub remove_timer_sub : sig.

Lemma clear_directed_fades p s : fades p (clear_directed_signal p s).
Proof.
  unfold clear_directed_signal. eapply fades_trans; [apply (fades_main p (thread_clear_pending (p_main p) s)), (thread_clear_fades s)|].
  apply (fades_map (set_main p (thread_clear_pending (p_main p) s)) (fun t => thread_clear_pending t s)). auto with sig.
Qed.
Lemma clear_everywhere_fades p s : fades p (clear_signal_everywhere p s).
Proof.
  unfold clear_signal_everywhere. eapply fades_trans; [|apply clear_directed_fades]. apply fades_sig; [done..|]. apply clear_signal_sub.
Qed.
Lemma accept_fades p i : fades p (fst (accept_posix_timer_notification p i)).
Proof. unfold accept_posix_timer_notification. repeat case_match; cbn [fst]; auto with sig. Qed.
Lemma legacy_fades p i : fades p (fst (note_legacy_posix_timer_interval_fire p i)).
Proof. unfold note_legacy_posix_timer_interval_fire. repeat case_match; cbn [fst]; auto with sig. Qed.
Lemma accepts_fades l p : fades p (fold_left (fun p t => fst (accept_posix_timer_notification p t)) l p).
Proof.
  revert p. induction l as [|x l IH]; intros p; cbn [fold_left]; [auto with sig|].
  eapply fades_trans; [apply accept_fades | apply IH].
Qed.
Lemma discard_fades p s : fades p (discard_pending_signal p s).
Proof. unfold discard_pending_signal. eapply fades_trans; [apply clear_everywhere_fades | apply accepts_fades]. Qed.

Lemma remove_timer_notification_fades p i : fades p (fst (remove_posix_timer_notification p i)).
Proof.
  unfold remove_posix_timer_notification, remove_timer_notification.
  destruct (remove_timer_info (shared_pending (p_signals p)) i) as [pd r] eqn:E1.
  destruct (thread_remove_timer_notification (p_main p) i) as [m r2] eqn:E2. cbn [fst].
  set (st := with_shared _ _ _).
  assert (H1 : fades p (set_sig p st)).
  { apply fades_sig; try done. cbn. pose proof (remove_timer_sub (shared_pending (p_signals p)) i) as Hs. by rewrite E1 in Hs. }
  assert (H2 : fades (set_sig p st) (set_main (set_sig p st) m)).
  { apply fades_main. pose proof (thread_remove_timer_fades i (p_main p)) as [_ Hs]. cbn in Hs. by rewrite E2 in Hs. }
  eapply fades_trans; [exact H1|]. eapply fades_trans; [exact H2|].
  apply (fades_map (set_main (set_sig p st) m) (fun t => fst (thread_remove_timer_notification t i))). auto with sig.
Qed.

Lemma consume_fades p tid s : fades p (fst (consume_signal_for p tid s)).
Proof.
  unfold consume_signal_for. destruct (negb (known_thread p tid)); [auto with sig|].
  assert (Hsh : fades p (fst (if negb (has_bit (shared_bits p) s) then (p, None)
    else let '(st, info) := consume_one (p_signals p) s in (set_sig p st, Some info)))).
  { destruct (negb _); [auto with sig|]. unfold consume_one. pose proof (consume_sub (shared_pending (p_signals p)) s) as Hs.
    destruct (consume_pending_info _ _) as [pd info]. cbn [fst] in *. by apply fades_sig. }
  destruct (is_main_thread p tid).
  - destruct (thread_is_pending (p_main p) s); [|done].
    pose proof (thread_consume_fades s (p_main p)) as [_ Hs]. cbn beta in Hs.
    destruct (thread_consume_one_info (p_main p) s). cbn [fst] in *. by apply fades_main.
  - destruct (get_thread p tid) as [t|]; [|done]. destruct (thread_is_pending t s); [|done]. cbn [fst]. auto with sig.
Qed.

Lemma take_signal_fades p tid m : fades p (fst (take_signal_for p tid m)).
Proof.
  unfold take_signal_for. destruct (_ =? 0); [auto with sig|]. destruct (NSIG <=? _); [auto with sig|].
  pose proof (consume_fades p tid (trailing_zeros (Z.land (pending_for p tid) m) + 1)) as H1.
  destruct (consume_signal_for _ _ _) as [p1 [info|]]; [|done]. cbn [fst] in H1.
  destruct (info_timer info) as [i|]; [|done].
  pose proof (accept_fades p1 i) as H2. destruct (accept_posix_timer_notification p1 i). cbn [fst] in *. by eapply fades_trans.
Qed.

Lemma wait_event_fades p a b c d : fades p (set_wait_event p a b c d).
Proof. unfold set_wait_event. eapply fades_trans; [exact (fades_call p NoteChildrenChanged eq_refl) | apply fades_event]. Qed.

Lemma record_stop_fades p s : fades p (fst (record_stop p s)).
Proof.
  unfold record_stop. destruct (negb _); [auto with sig|]. cbn [fst]. eapply fades_trans; [apply (fades_state p Stopped); by left|].
  eapply fades_trans; [apply wait_event_fades | by apply fades_call].
Qed.
Lemma exit_fades p a b c d e f : fades p (call (call (set_wait_event (set_exit (call (set_state p Exited) (RetireParks (p_pid p))) a b) c d e f)
  (QueueProcessExit (p_pid p))) (NoteChildExited (p_pid p))).
Proof.
  eapply fades_trans; [apply (fades_state p Exited); by right|]. eapply fades_trans; [by apply (fades_call _ (RetireParks (p_pid p)))|].
  eapply fades_trans; [apply fades_exit|]. eapply fades_trans; [apply wait_event_fades|].
  eapply fades_trans; [exact (fades_call _ (QueueProcessExit (p_pid p)) eq_refl) | by apply fades_call].
Qed.

Lemma set_mask_waits_fades p tid ws : fades p (set_mask_waits_for p tid ws).
Proof. unfold set_mask_waits_for. destruct (is_main_thread p tid); [apply fades_frames | by apply fades_update]. Qed.
Lemma set_depth_fades p tid d : fades p (set_caught_handler_depth_for p tid d).
Proof. unfold set_caught_handler_depth_for. destruct (is_main_thread p tid); [apply fades_frames | by apply fades_update]. Qed.
Lemma set_returned_fades p tid rs : fades p (set_returned_for p tid rs).
Proof. unfold set_returned_for. destruct (is_main_thread p tid); [apply fades_frames | by apply fades_update]. Qed.

(** *** Changes of one mask *)

(** The mask of [actor] may change, but not in a pending shared signal. *)
Record mask_change (actor : Z) p p' : Prop := {
  mc_pid : p_pid p' = p_pid p;
  mc_state : p_state p' = p_state p;
  mc_actions : actions (p_signals p') = actions (p_signals p);
  mc_shared : shared_bits p' = shared_bits p;
  mc_main : thread_bits (p_main p') = thread_bits (p_main p);
  mc_blocked : forall s, valid s -> Z.testbit (shared_bits p) (s - 1) = true ->
    Z.testbit (blocked (p_signals p')) (s - 1) = Z.testbit (blocked (p_signals p)) (s - 1);
  mc_threads : Forall2 (fun t t' => fst t' = fst t /\ thread_bits (snd t') = thread_bits (snd t) /\
    (fst t <> actor -> thread_blocked (snd t') = thread_blocked (snd t)) /\
    (forall s, valid s -> Z.testbit (shared_bits p) (s - 1) = true ->
       Z.testbit (thread_blocked (snd t')) (s - 1) = Z.testbit (thread_blocked (snd t)) (s - 1))) (p_threads p) (p_threads p') }.

Lemma mask_change_get actor p p' tid : mask_change actor p p' -> tid <> actor ->
  match get_thread p tid, get_thread p' tid with
  | Some t, Some t' => thread_blocked t' = thread_blocked t /\ thread_bits t' = thread_bits t
  | None, None => True
  | _, _ => False
  end.
Proof.
  intros H Hne. pose proof (mc_threads _ _ _ H) as Ht. unfold get_thread. clear H.
  induction Ht as [|[i t] [i' t'] l l' (Hi & Hb & Hm & _) Hl IH]; [done|]. cbn [List.find fst snd] in *. subst i'.
  destruct (Z.eqb_spec i tid) as [->|Hn]; [|done]. cbn. auto.
Qed.

Lemma mask_change_known actor p p' tid : mask_change actor p p' ->
  match get_thread p' tid with Some _ => true | None => false end = match get_thread p tid with Some _ => true | None => false end.
Proof.
  intros H. pose proof (mc_threads _ _ _ H) as Ht. unfold get_thread. clear H.
  induction Ht as [|[i t] [i' t'] l l' (Hi & _) Hl IH]; [done|]. cbn [List.find fst] in *. subst i'. by destruct (i =? tid).
Qed.

Lemma mask_change_pick actor p p' s : mask_change actor p p' -> valid s -> Z.testbit (shared_bits p) (s - 1) = true ->
  pick_thread_for_shared_signal p' s = pick_thread_for_shared_signal p s.
Proof.
  intros H Hv Hs. unfold pick_thread_for_shared_signal, is_live_explicit_tid, is_running_or_stopped.
  rewrite (mask_change_known _ _ _ _ H), (mc_pid _ _ _ H), (mc_state _ _ _ H), !has_bit_spec by done.
  rewrite (mc_blocked _ _ _ H s Hv Hs). destruct (_ || _); [done|]. destruct (negb _); [done|].
  pose proof (mc_threads _ _ _ H) as Ht. clear H.
  induction Ht as [|t t' l l' (Hi & _ & _ & Hb) Hl IH]; [done|]. cbn [List.find].
  rewrite !has_bit_spec, (Hb s Hv Hs) by done. destruct (negb _); [cbn; congruence | done].
Qed.

Lemma mask_change_wf actor p p' : wf_proc p -> mask_change actor p p' -> wf_proc p'.
Proof.
  intros [H1 H2 H3 H4 H5 H6 H7] [E1 E2 E3 E4 E5 E6 E7].
  assert (Ht : map fst (p_threads p') = map fst (p_threads p)).
  { clear - E7. induction E7 as [|t t' l l' (Hi & _) Hl IH]; [done|]. cbn [map]. by rewrite Hi, IH. }
  split; rewrite ?Ht, ?E1, ?E3, ?E4, ?E5; auto.
  - apply (List.Forall_map fst (fun i => i <> p_pid p /\ i <> 0)). rewrite Ht. by apply List.Forall_map.
  - clear - H6 E7. revert H6. induction E7 as [|t t' l l' (_ & Hs & _) Hl IH]; intros H6; [constructor|].
    inversion H6; subst. constructor; [by rewrite Hs | auto].
Qed.

Lemma interrupts_mask actor p p' tid : wf_proc p -> mask_change actor p p' ->
  (is_main_thread p actor = false -> blocked (p_signals p') = blocked (p_signals p)) ->
  same_task p actor tid = false -> interrupts p' tid = true -> interrupts p tid = true.
Proof.
  intros H Hc Hmain Hst. pose proof (mask_change_wf _ _ _ H Hc) as H'. unfold interrupts. rewrite !andb_true_iff.
  intros [Hl Ht]. apply orb_false_iff in Hst as [Hst Hne%Z.eqb_neq].
  split. { revert Hl. unfold is_live_explicit_tid, is_running_or_stopped. by rewrite (mask_change_known _ _ _ _ Hc), (mc_pid _ _ _ Hc), (mc_state _ _ _ Hc). }
  apply targets_spec in Ht as (Hs & x & s & Hd & Hv & Hb & Hi & Hx); [|done]. apply targets_spec; [done|].
  pose proof (mask_change_get _ _ _ tid Hc ltac:(lia)) as Hg. rewrite (mc_state _ _ _ Hc) in Hs. split; [done|]. exists x, s.
  assert (Hdir : directed_bits p tid = directed_bits p' tid).
  { unfold directed_bits. rewrite (mc_pid _ _ _ Hc), (mc_main _ _ _ Hc). destruct (_ =? _); [done|].
    destruct (get_thread p tid), (get_thread p' tid); try done. cbn. by destruct Hg as [_ ->]. }
  assert (Hblk : blocked_for p tid = blocked_for p' tid).
  { unfold blocked_for, is_main_thread in *. rewrite (mc_pid _ _ _ Hc). destruct ((tid =? 0) || (tid =? p_pid p)) eqn:Em.
    - rewrite andb_true_r in Hst. by rewrite Hmain.
    - destruct (get_thread p tid), (get_thread p' tid); try done. by destruct Hg as [-> _]. }
  rewrite Hdir, Hblk, <- (is_ignored_eq p p') by apply Hc. split_and!; auto.
  destruct Hx as [?|[Hsh Hp]]; [by left|]. right. rewrite (mc_shared _ _ _ Hc) in Hsh. split; [done|].
  by rewrite <- (mask_change_pick _ _ _ s Hc).
Qed.

Lemma xor_land_bit a b c i : Z.land (Z.lxor a b) c = 0 -> Z.testbit c i = true -> Z.testbit b i = Z.testbit a i.
Proof.
  intros E Hc. assert (Hz : Z.testbit (Z.land (Z.lxor a b) c) i = false) by (by rewrite E, Z.testbit_0_l).
  rewrite Z.land_spec, Z.lxor_spec, Hc, andb_true_r in Hz. by destruct (Z.testbit a i), (Z.testbit b i).
Qed.

Lemma update_wf p tid f : (forall t, mask64 (thread_bits t) -> mask64 (thread_bits (f t))) -> wf_proc p -> wf_proc (update_thread p tid f).
Proof.
  intros Hf [H1 H2 H3 H4 H5 H6 H7]. split; auto; cbn [p_threads update_thread set_threads p_pid].
  - replace (map fst (update_first _ _ (p_threads p))) with (map fst (p_threads p)); [done|].
    clear. induction (p_threads p) as [|u l IH]; [done|]. cbn [update_first]. destruct (_ =? _); [done|]. cbn [map]. by rewrite <- IH.
  - clear -H2. induction H2 as [|t l Ht Hl IH]; cbn [update_first]; [constructor|]. destruct (_ =? _); by constructor.
  - clear -H6 Hf. induction H6 as [|t l Ht Hl IH]; cbn [update_first]; [constructor|].
    destruct (_ =? _); constructor; auto. by apply Hf.
Qed.
Lemma sig_wf p st : wf_proc p -> mask64 (pending (shared_pending st)) -> length (actions st) = 65%nat -> wf_proc (set_sig p st).
Proof. intros [H1 H2 H3 H4 H5 H6 H7] Hm Hl. by split. Qed.
Lemma main_wf p t : wf_proc p -> mask64 (thread_bits t) -> wf_proc (set_main p t).
Proof. intros [H1 H2 H3 H4 H5 H6 H7] Hm. by split. Qed.

Lemma set_blocked_keeps p tid m : wf_proc p -> keeps tid p (fst (set_blocked_for p tid m)).
Proof.
  intros H. unfold set_blocked_for. destruct (known_thread p tid) eqn:Ek; cbn [negb]; [|apply keeps_fades; [done|apply fades_refl]].
  set (p1 := if is_main_thread p tid then _ else _). cbn [fst].
  assert (Hn1 : notes p1 = notes p) by (unfold p1; by destruct (is_main_thread p tid)).
  assert (Hpid : p_pid p1 = p_pid p) by (unfold p1; by destruct (is_main_thread p tid)).
  assert (Hsh : shared_bits p1 = shared_bits p) by (unfold p1; by destruct (is_main_thread p tid)).
  assert (Hwf : wf_proc p1).
  { unfold p1. destruct (is_main_thread p tid); [by apply sig_wf; try apply H | by apply update_wf]. }
  destruct (Z.eqb_spec (Z.land (Z.lxor (blocked_for p tid) m) (pending (shared_pending (p_signals p1)))) 0) as [E|E]; cbn [negb].
  2:{ apply keeps_noted; [destruct Hwf; by split|done|]. rewrite notes_call, Hn1. cbn. lia. }
  split; [done|done|lia|]. intros _ t Ht. fold (shared_bits p1) in E. rewrite Hsh in E.
  assert (Hbit : forall s, Z.testbit (shared_bits p) (s - 1) = true -> Z.testbit m (s - 1) = Z.testbit (blocked_for p tid) (s - 1))
    by (intros s Hs; by apply (xor_land_bit _ _ _ _ E)).
  apply (interrupts_mask tid); [done| |unfold p1; by intros ->|done].
  unfold blocked_for in Hbit. unfold p1. destruct (is_main_thread p tid).
  - split; try done; [intros s _ Hs; by apply Hbit|]. cbn.
    clear. induction (p_threads p); constructor; auto.
  - split; try done. cbn. unfold get_thread in Hbit. induction (p_threads p) as [|u l IH]; cbn [update_first]; [constructor|].
    cbn [List.find] in Hbit. destruct (Z.eqb_spec (fst u) tid) as [Hu|Hu].
    + constructor; [|clear; induction l; constructor; auto]. cbn [fst snd thread_blocked set_thread_blocked]. split_and!; try done.
      intros s _ Hs. rewrite Hbit by done. done.
    + constructor; [done|]. by apply IH.
Qed.

(** *** Temporary masks *)

(** A change that fades, possibly followed by a change of the task's mask. *)
Definition masks (tid : Z) p p' : Prop :=
  exists q, fades p q /\ (p' = q \/ exists m, p' = fst (set_blocked_for q tid m)).

Lemma masks_keeps tid p p' : wf_proc p -> masks tid p p' -> keeps tid p p'.
Proof.
  intros H (q & Hq & Hp). pose proof (keeps_fades tid p q H Hq) as Hk. destruct Hp as [-> |[m ->]]; [done|].
  eapply keeps_trans; [exact Hk|]. apply set_blocked_keeps, Hk.
Qed.

Lemma masks_fades tid p q : fades p q -> masks tid p q.
Proof. intros H. exists q. auto. Qed.
Lemma masks_push p tid ws m : masks tid p (fst (set_blocked_for (set_mask_waits_for p tid ws) tid m)).
Proof. exists (set_mask_waits_for p tid ws). split; [apply set_mask_waits_fades|]. right. by exists m. Qed.
#[local] Hint Resolve masks_fades masks_push set_mask_waits_fades fades_refl : sig.

Lemma enter_masks p tid k m : masks tid p (enter_signal_mask_wait_for p tid k m).
Proof. unfold enter_signal_mask_wait_for. repeat case_match; auto with sig. Qed.

Lemma finish_masks p tid k : masks tid p (fst (finish_signal_mask_wait_for p tid k)).
Proof. unfold finish_signal_mask_wait_for. repeat case_match; cbn [fst]; auto with sig. Qed.

Lemma finish_matching_masks p tid k m : masks tid p (fst (finish_matching_signal_mask_retry_for p tid k m)).
Proof. unfold finish_matching_signal_mask_retry_for. destruct (_ && _); [apply finish_masks | cbn [fst]; auto with sig]. Qed.

Lemma return_handler_fades p tid : fades p (fst (return_from_caught_handler_for p tid)).
Proof.
  unfold return_from_caught_handler_for. destruct (_ =? 0); [apply fades_refl|]. cbn [fst].
  destruct (returned_handler_depths_for _ _); [eapply fades_trans; [apply set_depth_fades | apply set_returned_fades] | apply set_depth_fades].
Qed.
Lemma acknowledge_fades p tid : fades p (acknowledge_caught_handler_mask_restore_for p tid).
Proof. unfold acknowledge_caught_handler_mask_restore_for. case_match; [apply set_returned_fades | apply fades_refl]. Qed.

Lemma cancel_wait_masks p tid : masks tid p (fst (cancel_signal_mask_wait_for p tid)).
Proof.
  unfold cancel_signal_mask_wait_for. destruct (returned_handler_depths_for p tid) as [rs|]; [|cbn [fst]; auto with sig].
  destruct (last rs) as [d|].
  - assert (H1 : fades p (set_returned_for p tid (removelast rs))) by apply set_returned_fades.
    repeat case_match; cbn [fst]; auto with sig. apply masks_fades. eapply fades_trans; [done|apply set_mask_waits_fades].
  - repeat case_match; cbn [fst]; auto with sig.
Qed.

Lemma install_masks p tid am s : masks tid p (fst (install_caught_handler_mask_for p tid am s)).
Proof.
  unfold install_caught_handler_mask_for. set (d := saturating_add _ _ _).
  set (p1 := set_caught_handler_depth_for p tid d). assert (H1 : fades p p1) by apply set_depth_fades.
  match goal with |- context [let '(p, restore) := ?e in _] => assert (H2 : fades p (fst e)); [|destruct e as [p2 r]] end.
  { repeat case_match; cbn [fst]; try done; (eapply fades_trans; [done|apply set_mask_waits_fades]). }
  cbn [fst] in *. exists p2. split; [done|]. right. by eexists.
Qed.

(** *** Generation *)

Lemma clear_list_fades l p : fades p (fold_left clear_signal_everywhere l p).
Proof.
  revert p. induction l as [|x l IH]; intros p; cbn [fold_left]; [apply fades_refl|].
  eapply fades_trans; [apply clear_everywhere_fades | apply IH].
Qed.

Lemma continue_spec p : p_signals (fst (record_continue p)) = p_signals p /\ p_main (fst (record_continue p)) = p_main p /\
  p_threads (fst (record_continue p)) = p_threads p /\ p_pid (fst (record_continue p)) = p_pid p /\
  notes (fst (record_continue p)) = notes p.
Proof.
  unfold record_continue. destruct (negb _); [done|]. split_and!; try done. cbn [fst]. rewrite notes_call.
  unfold set_wait_event. change (notes (set_event ?q _)) with (notes q). rewrite notes_call. cbn. unfold notes. cbn. lia.
Qed.

Lemma wf_call p c : wf_proc p -> wf_proc (call p c).
Proof. intros [H1 H2 H3 H4 H5 H6 H7]. by split. Qed.

Lemma prepare_spec p s : wf_proc p -> valid s ->
  let p' := prepare_signal_generation p s in wf_proc p' /\ p_pid p' = p_pid p /\ notes p' = S (notes p).
Proof.
  intros H Hv p'. unfold p', prepare_signal_generation. rewrite out_of_range_valid by done.
  pose proof (wf_call p NoteSignalGenerated H) as H1.
  assert (Hn1 : notes (call p NoteSignalGenerated) = S (notes p)) by (rewrite notes_call; cbn; lia).
  set (p1 := call p NoteSignalGenerated) in *. assert (Hp1 : p_pid p1 = p_pid p) by done.
  assert (Hf : forall q, fades p1 q -> wf_proc q /\ p_pid q = p_pid p /\ notes q = S (notes p)).
  { intros q [Hle Hq]. split; [by eapply wf_le|]. split; [rewrite <- Hp1; apply Hle | congruence]. }
  destruct (s =? SIGCONT).
  - set (l := [SIGSTOP; SIGTSTP; SIGTTIN; SIGTTOU]). destruct (Hf _ (clear_list_fades l p1)) as (Hw & Hp & Hn).
    destruct (continue_spec (fold_left clear_signal_everywhere l p1)) as (E1 & E2 & E3 & E4 & E5).
    split; [|by rewrite E4, E5]. destruct Hw as [W1 W2 W3 W4 W5 W6 W7]. unfold shared_bits in *. split; unfold shared_bits; rewrite ?E1, ?E2, ?E3, ?E4; done.
  - destruct (is_stop_signal s); [apply Hf, clear_everywhere_fades | by apply Hf, fades_refl].
Qed.

Lemma enqueue_mask pd s v c a b : mask64 (pending pd) -> valid s -> mask64 (pending (enqueue pd s v c a b)).
Proof. intros H Hv. by apply mask64_lor. Qed.
Lemma enqueue_timer_mask pd s v i : mask64 (pending pd) -> valid s -> mask64 (pending (enqueue_timer pd s v i)).
Proof. intros H Hv. by apply mask64_lor. Qed.

Lemma raise_keeps actor p s v c a b : wf_proc p -> 0 <= s -> keeps actor p (fst (raise_signal_with_metadata p s v c a b)).
Proof.
  intros H Hs. unfold raise_signal_with_metadata, raise_internal. destruct (guard_cases s Hs) as [Hv|Hg].
  - rewrite guard_valid by done. destruct (prepare_spec p s H Hv) as (Hw & Hp & Hn).
    destruct (should_discard_pending _ _); cbn [fst]; apply keeps_noted; try done; try (cbn; unfold notes in *; cbn in *; lia).
    + apply sig_wf; [done|apply Hw|apply Hw].
    + apply sig_wf; [done|apply enqueue_mask; [apply Hw|done]|apply Hw].
  - rewrite Hg. cbn [fst]. replace (prepare_signal_generation p s) with p by (unfold prepare_signal_generation, out_of_range, NSIG; by rewrite Hg).
    apply keeps_fades; [done|]. by apply fades_sig.
Qed.

Lemma raise_timer_keeps actor p s v i : wf_proc p -> 0 <= s -> keeps actor p (fst (raise_process_timer p s v i)).
Proof.
  intros H Hs. unfold raise_process_timer, out_of_range, raise_timer. destruct (guard_cases s Hs) as [Hv|Hg]; unfold NSIG.
  - rewrite guard_valid by done. destruct (prepare_spec p s H Hv) as (Hw & Hp & Hn). cbn [fst].
    apply keeps_noted; [|done|cbn; unfold notes in *; cbn in *; lia]. apply sig_wf; [done|apply enqueue_timer_mask; [apply Hw|done]|apply Hw].
  - rewrite Hg. apply keeps_fades; [done|apply fades_refl].
Qed.

Lemma raise_directed_keeps actor p tid s f : wf_proc p -> 0 <= s ->
  (forall t, valid s -> mask64 (thread_bits t) -> mask64 (thread_bits (fst (f t)))) ->
  keeps actor p (fst (raise_directed p tid s f)).
Proof.
  intros H Hs Hf. pose proof (keeps_fades actor p p H (fades_refl p)) as Hr. unfold raise_directed, out_of_range, NSIG.
  destruct (guard_cases s Hs) as [Hv|Hg]; [rewrite guard_valid by done|by rewrite Hg].
  destruct (negb (known_thread p tid)); [done|]. destruct (prepare_spec p s H Hv) as (Hw & Hp & Hn).
  set (q := prepare_signal_generation p s) in *.
  assert (Hk : forall q', wf_proc q' -> p_pid q' = p_pid q -> notes q' = notes q -> keeps actor p q').
  { intros q' Hq' E1 E2. apply keeps_noted; [done|congruence|lia]. }
  destruct (should_discard_pending _ _); [by apply Hk|]. destruct (is_main_thread q tid).
  - pose proof (Hf (p_main q) Hv (wp_main _ Hw)) as Hm. destruct (f (p_main q)) as [t b]. cbn [fst] in *. apply Hk; try done. by apply main_wf.
  - destruct (get_thread q tid) as [t|]; [|by apply Hk]. cbn [fst]. apply Hk; try done. apply update_wf; auto.
Qed.

Lemma thread_raise_mask s v c a b t : 0 <= s -> mask64 (thread_bits t) -> mask64 (thread_bits (fst (thread_raise_internal t s v c a b))).
Proof.
  intros Hs H. unfold thread_raise_internal, NSIG. destruct (guard_cases s Hs) as [Hv|Hg]; [|by rewrite Hg].
  rewrite guard_valid by done. by apply enqueue_mask.
Qed.
Lemma thread_raise_timer_mask s v i t : 0 <= s -> mask64 (thread_bits t) -> mask64 (thread_bits (fst (thread_raise_timer t s v i))).
Proof.
  intros Hs H. unfold thread_raise_timer, NSIG. destruct (guard_cases s Hs) as [Hv|Hg]; [|by rewrite Hg].
  rewrite guard_valid by done. by apply enqueue_timer_mask.
Qed.

(** *** Threads *)

Lemma get_thread_iff p i t : wf_proc p -> get_thread p i = Some t <-> In (i, t) (p_threads p).
Proof.
  intros H. split; [|by apply get_thread_in]. unfold get_thread.
  destruct (List.find _ _) as [[j u]|] eqn:E; [|done]. cbn. intros [= ->]. apply find_some in E as [Hin He%Z.eqb_eq]. cbn in He. by subst.
Qed.

Lemma get_thread_ext p p' i : wf_proc p -> wf_proc p' -> (forall t, In (i, t) (p_threads p') <-> In (i, t) (p_threads p)) ->
  get_thread p' i = get_thread p i.
Proof.
  intros H H' Hi. destruct (get_thread p i) as [t|] eqn:E.
  - apply get_thread_iff, Hi; [done|]. by apply get_thread_iff.
  - destruct (get_thread p' i) as [t|] eqn:E'; [|done]. apply get_thread_iff, Hi, get_thread_iff in E'; [congruence|done|done].
Qed.

(** Changes of the set of threads, the rest of the process and the other
    threads as before: no other task gains a signal if none is shared, or if
    the threads before [tid] in the order of preference stay. *)
Lemma interrupts_threads p p' actor tid : wf_proc p -> wf_proc p' -> p_pid p' = p_pid p -> p_state p' = p_state p ->
  p_signals p' = p_signals p -> p_main p' = p_main p -> (forall i, i <> actor -> get_thread p' i = get_thread p i) ->
  (forall s, valid s -> Z.testbit (shared_bits p) (s - 1) = true -> tid <> actor ->
     pick_thread_for_shared_signal p' s = Some tid -> pick_thread_for_shared_signal p s = Some tid) ->
  same_task p actor tid = false -> interrupts p' tid = true -> interrupts p tid = true.
Proof.
  intros H H' E1 E2 E3 E4 Hg Hpick [_ Hne%Z.eqb_neq]%orb_false_iff. unfold interrupts. rewrite !andb_true_iff. intros [Hl Ht].
  pose proof (Hg tid ltac:(lia)) as Hgt. split.
  { revert Hl. unfold is_live_explicit_tid, is_running_or_stopped. by rewrite E1, E2, Hgt. }
  apply targets_spec in Ht as (Hs & x & s & Hd & Hv & Hb & Hi & Hx); [|done]. apply targets_spec; [done|].
  rewrite E2 in Hs. split; [done|]. exists x, s.
  unfold directed_bits in *. unfold blocked_for, is_main_thread in *. rewrite E1, E3, Hgt in Hb. rewrite E1, E4, Hgt in Hd.
  rewrite <- (is_ignored_eq p p') by (by rewrite E3). split_and!; auto.
  destruct Hx as [?|[Hsh Hp]]; [by left|]. right. unfold shared_bits in *. rewrite E3 in Hsh. split; [done|]. by apply Hpick.
Qed.

Lemma add_thread_keeps p tid : wf_proc p -> tid <> 0 -> tid <> p_pid p -> ~ In tid (map fst (p_threads p)) ->
  keeps tid p (add_allocated_thread p tid).
Proof.
  intros H H0 Hpid Hni.
  assert (H' : wf_proc (add_allocated_thread p tid)).
  { destruct H as [H1 H2 H3 H4 H5 H6 H7]. split; auto; cbn [p_threads add_allocated_thread set_threads p_pid].
    - rewrite map_app. cbn [map fst]. apply NoDup_app. split; [done|]. split; [|apply NoDup_singleton].
      intros x Hx ->%list_elem_of_singleton. by apply Hni, list_elem_of_In.
    - apply Forall_app. split; [done|]. by constructor.
    - apply Forall_app. split; [done|]. constructor; [|done]. split; [done|]. cbn. intros i. by rewrite Z.testbit_0_l. }
  split; [done|done|done|]. intros _ t Ht. apply (interrupts_threads p _ tid); auto.
  - intros i Hi. apply get_thread_ext; auto. intros u. cbn. rewrite in_app_iff. cbn. split; [|auto]. intros [?|[[= <- _]|[]]]; done.
  - intros s Hv Hsh Hne. unfold pick_thread_for_shared_signal. unfold is_live_explicit_tid.
    cbn [p_pid p_signals p_state add_allocated_thread set_threads is_running_or_stopped p_threads]. rewrite Z.eqb_refl. cbn [orb].
    destruct (_ || _); [done|]. destruct (negb (has_bit _ s)); [done|]. generalize (p_threads p) as l. intros l.
    induction l as [|u l IH]; cbn [app List.find].
    + destruct (negb _); [|done]. cbn. intros [= <-]. done.
    + by destruct (negb _).
Qed.

Lemma remove_thread_keeps p tid : wf_proc p -> keeps tid p (fst (remove_thread p tid)).
Proof.
  intros H. unfold remove_thread. set (p1 := call p (EpollFinishWait tid)).
  assert (Hf : fades p p1) by by apply fades_call. pose proof (keeps_fades tid _ _ H Hf) as Hk.
  destruct (position (fun t => fst t =? tid) (p_threads p1)) as [i|] eqn:Ep; [|done]. cbn [fst].
  apply position_Some in Ep as (t & Hi & Ht%Z.eqb_eq & _).
  pose proof (swap_remove_perm i (p_threads p1) t Hi) as Hperm. set (l := swap_remove i (p_threads p1)) in *.
  assert (Hwl : forall q, p_pid q = p_pid p1 -> p_signals q = p_signals p1 -> p_main q = p_main p1 -> p_threads q = l -> wf_proc q).
  { intros q E1 E2 E3 E4. destruct (k_wf _ _ _ Hk) as [W1 W2 W3 W4 W5 W6 W7].
    rewrite Hperm in W1, W2, W6. cbn [map] in W1. apply NoDup_cons in W1 as [_ W1]. inversion W2; inversion W6; subst.
    split; unfold shared_bits in *; rewrite ?E1, ?E2, ?E3, ?E4; done. }
  assert (Hget : forall q, wf_proc q -> p_threads q = l -> forall j, j <> tid -> get_thread q j = get_thread p1 j).
  { intros q Hq Eq j Hj. apply get_thread_ext; [apply Hk|done|]. intros u. rewrite Eq. split; intros Hin.
    - apply (Permutation_in _ (symmetry Hperm)). by right.
    - apply (Permutation_in _ Hperm) in Hin as [->|Hin]; [done|done]. }
  eapply keeps_trans; [exact Hk|]. destruct (Z.eqb_spec (pending (shared_pending (p_signals p1))) 0) as [Ez|Ez]; cbn [negb].
  - assert (Hw : wf_proc (set_threads p1 l)) by by apply Hwl. split; [done|done|done|]. intros _ j Hj.
    apply (interrupts_threads p1 _ tid); auto; [apply Hk|].
    intros s _ Hs. unfold shared_bits in Hs. by rewrite Ez, Z.testbit_0_l in Hs.
  - apply keeps_noted; [by apply Hwl|done|]. pose proof (notes_call p1 NoteSignalGenerated) as Hn.
    cbn [is_note] in Hn. unfold notes in *. cbn [set_threads p_calls] in *. lia.
Qed.

(** What tasks do to the signals of their process; [actor] is the task whose
    mask, frames or existence the operation changes. *)
Inductive sig_step (actor : Z) p : Process -> Prop :=
  | ss_raise s v c a b : 0 <= s -> sig_step actor p (fst (raise_signal_with_metadata p s v c a b))
  | ss_raise_thread tid s v c a b : 0 <= s -> sig_step actor p (fst (raise_for_thread_with_metadata p tid s v c a b))
  | ss_raise_timer s v i : 0 <= s -> sig_step actor p (fst (raise_process_timer p s v i))
  | ss_raise_timer_thread tid s v i : 0 <= s -> sig_step actor p (fst (raise_timer_for_thread p tid s v i))
  | ss_mask m : sig_step actor p (fst (set_blocked_for p actor m))
  | ss_enter k m : sig_step actor p (enter_signal_mask_wait_for p actor k m)
  | ss_finish k : sig_step actor p (fst (finish_signal_mask_wait_for p actor k))
  | ss_finish_matching k m : sig_step actor p (fst (finish_matching_signal_mask_retry_for p actor k m))
  | ss_cancel : sig_step actor p (fst (cancel_signal_mask_wait_for p actor))
  | ss_install am s : sig_step actor p (fst (install_caught_handler_mask_for p actor am s))
  | ss_return : sig_step actor p (fst (return_from_caught_handler_for p actor))
  | ss_acknowledge : sig_step actor p (acknowledge_caught_handler_mask_restore_for p actor)
  | ss_consume tid s : sig_step actor p (fst (consume_signal_for p tid s))
  | ss_take tid m : sig_step actor p (fst (take_signal_for p tid m))
  | ss_discard s : sig_step actor p (discard_pending_signal p s)
  | ss_remove_timer i : sig_step actor p (fst (remove_posix_timer_notification p i))
  | ss_legacy_timer i : sig_step actor p (fst (note_legacy_posix_timer_interval_fire p i))
  | ss_stop s : sig_step actor p (fst (record_stop p s))
  | ss_exit st : sig_step actor p (fst (record_normal_exit p st))
  | ss_signal_exit s : sig_step actor p (fst (record_signal_exit p s))
  | ss_add_thread : actor <> 0 -> actor <> p_pid p -> ~ In actor (map fst (p_threads p)) ->
      sig_step actor p (add_allocated_thread p actor)
  | ss_remove_thread : sig_step actor p (fst (remove_thread p actor)).

Lemma sig_step_keeps actor p p' : wf_proc p -> sig_step actor p p' -> keeps actor p p'.
Proof.
  intros H Hs. pose proof (fun q => keeps_fades actor p q H) as Hf.
  destruct Hs as [s v c a b Hs|tid s v c a b Hs|s v i Hs|tid s v i Hs|m|k m|k|k m| |am s| | |tid s|tid m|s|i|i|s|st|s|H0 Hp Hn|].
  - by apply raise_keeps.
  - apply raise_directed_keeps; auto. intros t _. by apply thread_raise_mask.
  - by apply raise_timer_keeps.
  - apply raise_directed_keeps; auto. intros t _. by apply thread_raise_timer_mask.
  - by apply set_blocked_keeps.
  - apply masks_keeps; [done|]. apply enter_masks.
  - apply masks_keeps; [done|]. apply finish_masks.
  - apply masks_keeps; [done|]. apply finish_matching_masks.
  - apply masks_keeps; [done|]. apply cancel_wait_masks.
  - apply masks_keeps; [done|]. apply install_masks.
  - apply Hf, return_handler_fades.
  - apply Hf, acknowledge_fades.
  - apply Hf, consume_fades.
  - apply Hf, take_signal_fades.
  - apply Hf, discard_fades.
  - apply Hf, remove_timer_notification_fades.
  - apply Hf, legacy_fades.
  - apply Hf, record_stop_fades.
  - apply Hf. unfold record_normal_exit. destruct (is_over p); [apply fades_refl | exact (exit_fades p _ _ _ _ _ _)].
  - apply Hf. unfold record_signal_exit. destruct (is_over p); [apply fades_refl | exact (exit_fades p _ _ _ _ _ _)].
  - by apply add_thread_keeps.
  - by apply remove_thread_keeps.
Qed.
End Steps.

(** ** Job control *)

Section JobControl.
Implicit Types (p : Process) (tid s : Z).

Definition excl p : Prop := forall s, is_stop_signal s = true -> pends p SIGCONT -> pends p s -> False.
Definition adds_nothing p p' : Prop := forall s, pends p' s -> pends p s.

#[global] Instance adds_nothing_refl : Reflexive adds_nothing.
Proof. by intros p s. Qed.

Lemma excl_sub p p' : adds_nothing p p' -> excl p -> excl p'.
Proof. intros Hs He s Hst H1 H2. apply (He s Hst); auto. Qed.

Lemma fades_adds_nothing p p' : fades p p' -> adds_nothing p p'.
Proof.
  intros [[_ _ _ _ E5 E6 E7] _] s [H|[H|(t' & Hin & H)]]; [left; auto | right; left; auto | right; right].
  apply list_elem_of_In, list_elem_of_lookup in Hin as [i Hi].
  destruct (Forall2_lookup_r _ _ _ _ _ E7 Hi) as (t & Ht & _ & _ & Hs). exists t. split; [|auto].
  apply list_elem_of_In. by eapply list_elem_of_lookup_2.
Qed.

Lemma set_blocked_adds_nothing p tid m : adds_nothing p (fst (set_blocked_for p tid m)).
Proof.
  unfold set_blocked_for. destruct (negb (known_thread p tid)); [by intros s|]. cbn [fst].
  set (p1 := if is_main_thread p tid then _ else _).
  assert (H1 : adds_nothing p p1).
  { unfold p1. destruct (is_main_thread p tid); [by intros s|]. intros s [H|[H|(t & Hin & H)]]; [by left | by right; left | right; right].
    cbn in Hin. apply in_update_first in Hin as [Hin|(y & Hin & ->)]; [by exists t | by exists y]. }
  destruct (negb _); [|done]. intros s Hs. apply H1. exact Hs.
Qed.

Lemma masks_adds_nothing tid p p' : masks tid p p' -> adds_nothing p p'.
Proof.
  intros (q & Hq & [-> |[m ->]]); [by apply fades_adds_nothing|].
  intros s Hs. apply (fades_adds_nothing _ _ Hq). by apply (set_blocked_adds_nothing q tid m).
Qed.

(** Clearing a signal everywhere leaves no instance of it. *)
Lemma clear_pending_bit pd s : valid s -> Z.testbit (pending (clear_signal pd s)) (s - 1) = false.
Proof.
  intros Hv. unfold clear_signal. rewrite (proj2 (is_valid_spec s) Hv). cbn. rewrite ldiff_sig_bit by done.
  by rewrite Z.eqb_refl, andb_false_r.
Qed.
Lemma clear_everywhere_gone p s : valid s -> ~ pends (clear_signal_everywhere p s) s.
Proof.
  intros Hv [H|[H|(t & Hin & H)]].
  - unfold shared_bits in H. cbn in H. by rewrite clear_pending_bit in H.
  - unfold thread_bits in H. cbn in H. by rewrite clear_pending_bit in H.
  - cbn in Hin. apply in_map_iff in Hin as (u & <- & _). unfold thread_bits in H. cbn in H. by rewrite clear_pending_bit in H.
Qed.

Lemma clear_list_gone l p s : Forall valid l -> In s l -> ~ pends (fold_left clear_signal_everywhere l p) s.
Proof.
  intros Hv. revert p. induction Hv as [|x l Hx Hl IH]; intros p Hin; [destruct Hin|]. cbn [fold_left].
  destruct Hin as [->|Hin]; [|by apply IH]. intros Hp.
  by apply (clear_everywhere_gone p s Hx), (fades_adds_nothing _ _ (clear_list_fades l _)).
Qed.

Lemma pends_ext p p' s : shared_bits p' = shared_bits p -> p_main p' = p_main p -> p_threads p' = p_threads p -> pends p' s <-> pends p s.
Proof. unfold pends. by intros -> -> ->. Qed.

Lemma continue_pends p s : pends (fst (record_continue p)) s <-> pends p s.
Proof. destruct (continue_spec p) as (E1 & E2 & E3 & _). apply pends_ext; [unfold shared_bits; by rewrite E1|done|done]. Qed.

Lemma stop_signal_cases s : is_stop_signal s = true -> In s [SIGSTOP; SIGTSTP; SIGTTIN; SIGTTOU].
Proof. unfold is_stop_signal. rewrite !orb_true_iff, !Z.eqb_eq. cbn. intuition. Qed.
Lemma stop_signal_valid s : is_stop_signal s = true -> valid s /\ s <> SIGCONT.
Proof. intros H%stop_signal_cases. unfold valid, SIGCONT. cbn in H. unfold SIGSTOP, SIGTSTP, SIGTTIN, SIGTTOU in H. lia. Qed.

Lemma prepare_adds_nothing p s : adds_nothing p (prepare_signal_generation p s).
Proof.
  unfold prepare_signal_generation. destruct (out_of_range s); [by intros s'|].
  destruct (s =? SIGCONT).
  - intros s' Hs'%continue_pends%(fades_adds_nothing _ _ (clear_list_fades _ _)). exact Hs'.
  - destruct (is_stop_signal s); [|by intros s'].
    intros s' Hs'. apply (fades_adds_nothing _ _ (clear_everywhere_fades _ _)) in Hs'. exact Hs'.
Qed.

Lemma prepare_excludes p s : valid s ->
  (s = SIGCONT -> forall s', is_stop_signal s' = true -> ~ pends (prepare_signal_generation p s) s') /\
  (is_stop_signal s = true -> ~ pends (prepare_signal_generation p s) SIGCONT).
Proof.
  intros Hv. unfold prepare_signal_generation. rewrite out_of_range_valid by done. split.
  - intros -> s' Hs'%stop_signal_cases. rewrite Z.eqb_refl.
    rewrite continue_pends. apply clear_list_gone; [|done].
    repeat constructor; unfold valid, SIGSTOP, SIGTSTP, SIGTTIN, SIGTTOU; lia.
  - intros Hs. destruct (stop_signal_valid s Hs) as [_ Hne]. rewrite (proj2 (Z.eqb_neq s SIGCONT) Hne), Hs.
    apply clear_everywhere_gone. unfold valid, SIGCONT. lia.
Qed.

(** Generating [s] adds no other signal. *)
Lemma excl_generate p p' s : valid s -> excl p ->
  (forall s', pends p' s' -> s' = s \/ pends (prepare_signal_generation p s) s') -> excl p'.
Proof.
  intros Hv He Hadd s' Hst Hc Hs'. destruct (prepare_excludes p s Hv) as [Hx Hy].
  destruct (stop_signal_valid s' Hst) as [_ Hne].
  destruct (Hadd _ Hc) as [<-|Hc'], (Hadd _ Hs') as [->|Hs'']; [done|by apply (Hx eq_refl s')|by apply Hy|].
  apply (He s' Hst); by apply (prepare_adds_nothing p s).
Qed.

Lemma lor_bit_cases x s s' : valid s -> Z.testbit (Z.lor x (sig_bit s)) (s' - 1) = true -> s' = s \/ Z.testbit x (s' - 1) = true.
Proof. intros Hv. rewrite lor_sig_bit by done. intros [?|He%Z.eqb_eq]%orb_true_iff; [by right | left; lia]. Qed.

Lemma raise_excl p s v c a b : 0 <= s -> excl p -> excl (fst (raise_signal_with_metadata p s v c a b)).
Proof.
  intros Hs He. unfold raise_signal_with_metadata, raise_internal. destruct (guard_cases s Hs) as [Hv|Hg].
  - rewrite guard_valid by done. apply (excl_generate p _ s); auto. intros s'.
    destruct (should_discard_pending _ _); cbn [fst]; [by right|].
    intros [H|[H|H]]; [|by right; right; left|by right; right; right].
    apply lor_bit_cases in H as [->|H]; auto. by right; left.
  - rewrite Hg. cbn [fst]. revert He. apply excl_sub. intros s' Hs'. apply (prepare_adds_nothing p s). exact Hs'.
Qed.

Lemma raise_timer_excl p s v i : 0 <= s -> excl p -> excl (fst (raise_process_timer p s v i)).
Proof.
  intros Hs He. unfold raise_process_timer, out_of_range, raise_timer. destruct (guard_cases s Hs) as [Hv|Hg]; unfold NSIG.
  - rewrite guard_valid by done. apply (excl_generate p _ s); auto. intros s'. cbn [fst].
    intros [H|[H|H]]; [|by right; right; left|by right; right; right].
    apply lor_bit_cases in H as [->|H]; auto. by right; left.
  - by rewrite Hg.
Qed.

Lemma raise_directed_excl p tid s f : 0 <= s -> excl p ->
  (forall t s', valid s -> Z.testbit (thread_bits (fst (f t))) (s' - 1) = true -> s' = s \/ Z.testbit (thread_bits t) (s' - 1) = true) ->
  excl (fst (raise_directed p tid s f)).
Proof.
  intros Hs He Hf. unfold raise_directed, out_of_range, NSIG.
  destruct (guard_cases s Hs) as [Hv|Hg]; [rewrite guard_valid by done|by rewrite Hg].
  destruct (negb (known_thread p tid)); [done|]. apply (excl_generate p _ s); auto. intros s'.
  set (q := prepare_signal_generation p s). destruct (should_discard_pending _ _); [by right|].
  destruct (is_main_thread q tid).
  - specialize (Hf (p_main q) s' Hv). destruct (f (p_main q)) as [t b]. cbn [fst] in *.
    intros [H|[H|H]]; [by right; left| |by right; right; right]. apply Hf in H as [->|H]; auto. by right; right; left.
  - destruct (get_thread q tid) as [t|]; [|by right]. cbn [fst]. intros [H|[H|(u & Hin & H)]]; [by right; left|by right; right; left|].
    cbn in Hin. apply in_update_first in Hin as [Hin|(y & Hin & ->)]; [right; right; right; by exists u|].
    cbn [snd] in H. apply Hf in H as [->|H]; auto. right; right; right. by exists y.
Qed.

Lemma thread_raise_bits t s v c a b s' : valid s -> Z.testbit (thread_bits (fst (thread_raise_internal t s v c a b))) (s' - 1) = true ->
  s' = s \/ Z.testbit (thread_bits t) (s' - 1) = true.
Proof. intros Hv. unfold thread_raise_internal, NSIG. rewrite guard_valid by done. by apply lor_bit_cases. Qed.
Lemma thread_raise_timer_bits t s v i s' : valid s -> Z.testbit (thread_bits (fst (thread_raise_timer t s v i))) (s' - 1) = true ->
  s' = s \/ Z.testbit (thread_bits t) (s' - 1) = true.
Proof. intros Hv. unfold thread_raise_timer, NSIG. rewrite guard_valid by done. by apply lor_bit_cases. Qed.

Lemma sig_step_excl actor p p' : sig_step actor p p' -> excl p -> excl p'.
Proof.
  intros Hs. pose proof (fun q H => excl_sub p q (fades_adds_nothing p q H)) as Hf.
  pose proof (fun q H => excl_sub p q (masks_adds_nothing actor p q H)) as Hm.
  destruct Hs as [s v c a b Hs|tid s v c a b Hs|s v i Hs|tid s v i Hs|m|k m|k|k m| |am s| | |tid s|tid m|s|i|i|s|st|s|H0 Hp Hn|].
  - by apply raise_excl.
  - intros He. apply raise_directed_excl; auto. intros t s'. apply thread_raise_bits.
  - by apply raise_timer_excl.
  - intros He. apply raise_directed_excl; auto. intros t s'. apply thread_raise_timer_bits.
  - apply excl_sub, set_blocked_adds_nothing.
  - apply Hm, enter_masks.
  - apply Hm, finish_masks.
  - apply Hm, finish_matching_masks.
  - apply Hm, cancel_wait_masks.
  - apply Hm, install_masks.
  - apply Hf, return_handler_fades.
  - apply Hf, acknowledge_fades.
  - apply Hf, consume_fades.
  - apply Hf, take_signal_fades.
  - apply Hf, discard_fades.
  - apply Hf, remove_timer_notification_fades.
  - apply Hf, legacy_fades.
  - apply Hf, record_stop_fades.
  - apply Hf. unfold record_normal_exit. destruct (is_over p); [apply fades_refl | exact (exit_fades p _ _ _ _ _ _)].
  - apply Hf. unfold record_signal_exit. destruct (is_over p); [apply fades_refl | exact (exit_fades p _ _ _ _ _ _)].
  - apply excl_sub. intros s [H|[H|(t & Hin & H)]]; [by left | by right; left|]. cbn in Hin. apply in_app_iff in Hin as [Hin|[<-|[]]].
    + right; right. by exists t.
    + cbn in H. by rewrite Z.testbit_0_l in H.
  - apply excl_sub. unfold remove_thread. destruct (position _ _) as [i|] eqn:Ep; cbn [fst]; [|by intros s].
    intros s [H|[H|(t & Hin & H)]]; [left; by destruct (negb _) | right; left; by destruct (negb _) |].
    right; right. exists t. split; [|done]. cbn [p_threads set_threads] in Hin.
    replace (p_threads (if negb _ then _ else _)) with (p_threads p) in Hin by (by destruct (negb _)).
    apply position_Some in Ep as (x & Hx & _). apply (Permutation_in _ (symmetry (swap_remove_perm i (p_threads p) x Hx))). by right.
Qed.

(** Dispositions, and the threads an exec drops. *)
Inductive proc_step p : Process -> Prop :=
  | ps_signal actor p' : sig_step actor p p' -> proc_step p p'
  | ps_sigaction s h fl m : 0 <= s -> proc_step p (fst (sys_sigaction p s h fl m))
  | ps_handler s h : 0 <= s -> proc_step p (fst (sys_signal p s h))
  | ps_clear_threads : proc_step p (clear_threads p).

Definition initial (pid uid : Z) : Process := mkProcess pid uid Running new new_thread [] [] 0 [] [] None 0 0 [].

Lemma set_action_bits st s a : subset (pending (shared_pending (fst (set_action st s a)))) (pending (shared_pending st)).
Proof. unfold set_action. destruct (_ || _); [done|]. destruct (should_discard_pending _ _); cbn; [apply clear_signal_sub | done]. Qed.
Lemma set_action_length st s a : length (actions (fst (set_action st s a))) = length (actions st).
Proof. unfold set_action. destruct (_ || _); [done|]. destruct (should_discard_pending _ _); cbn; by rewrite length_insert. Qed.

(** What the disposition calls do besides the new action. *)
Lemma new_action_ok p s a (b : bool) : wf_proc p ->
  let p' := set_sig p (fst (set_action (p_signals p) s a)) in
  let p'' := if b then clear_directed_signal p' s else p' in wf_proc p'' /\ adds_nothing p p''.
Proof.
  intros H p' p''. assert (H' : wf_proc p').
  { apply sig_wf; [done| |rewrite set_action_length; apply H]. eapply subset_mask64; [apply set_action_bits | apply H]. }
  assert (Hn : adds_nothing p p').
  { intros s' [Hs|Hs]; [left; by apply (set_action_bits (p_signals p) s a) | by right]. }
  unfold p''. destruct b; [|done]. split; [eapply wf_le; [done|apply clear_directed_fades]|].
  intros s' Hs'. apply Hn. by apply (fades_adds_nothing _ _ (clear_directed_fades p' s)).
Qed.

Lemma discard_if_ok (b : bool) p s : wf_proc p ->
  let p' := if b then discard_pending_signal p s else p in wf_proc p' /\ adds_nothing p p'.
Proof.
  intros H p'. unfold p'. destruct b; [|done]. split; [eapply wf_le; [done|apply discard_fades] | apply fades_adds_nothing, discard_fades].
Qed.

Lemma sigaction_ok p s h fl m : wf_proc p -> wf_proc (fst (sys_sigaction p s h fl m)) /\ adds_nothing p (fst (sys_sigaction p s h fl m)).
Proof.
  intros H. unfold sys_sigaction. destruct (out_of_range s); [done|]. destruct (_ || _); [done|].
  set (b := should_discard_pending s (handler_of_value h)). destruct (discard_if_ok b p s H) as [H1 N1].
  set (p1 := if b then discard_pending_signal p s else p) in *.
  destruct (new_action_ok p1 s (mkAction (handler_of_value h) fl m) b H1) as [H2 N2].
  destruct (set_action (p_signals p1) s _) as [st [old|]]; cbn [fst] in *; [|done]. split; [done|]. intros s' Hs'. auto.
Qed.

Lemma signal_ok p s h : wf_proc p -> wf_proc (fst (sys_signal p s h)) /\ adds_nothing p (fst (sys_signal p s h)).
Proof.
  intros H. unfold sys_signal. destruct (_ || _); [done|].
  set (b := should_discard_pending s (handler_of_value h)). destruct (discard_if_ok b p s H) as [H1 N1].
  set (p1 := if b then discard_pending_signal p s else p) in *.
  set (old := action_at (p_signals p1) s).
  destruct (new_action_ok p1 s (mkAction (handler_of_value h) (flags old) (mask old)) b H1) as [H2 N2].
  pose proof (fst_set_handler (p_signals p1) s (handler_of_value h)) as Hf. fold old in Hf. rewrite <- Hf in H2, N2.
  destruct (set_handler (p_signals p1) s _) as [st [o|]]; cbn [fst] in *; [|done]. split; [done|]. intros s' Hs'. auto.
Qed.

Lemma proc_step_ok p p' : wf_proc p -> excl p -> proc_step p p' -> wf_proc p' /\ excl p'.
Proof.
  intros H He Hs. destruct Hs as [actor p' Hs|s h fl m Hs|s h Hs|].
  - split; [apply (sig_step_keeps actor p p' H Hs) | by apply (sig_step_excl actor p)].
  - destruct (sigaction_ok p s h fl m H) as [H1 H2]. split; [done|]. by eapply excl_sub.
  - destruct (signal_ok p s h H) as [H1 H2]. split; [done|]. by eapply excl_sub.
  - destruct H as [H1 H2 H3 H4 H5 H6 H7]. split; [split; cbn; auto; constructor|].
    revert He. apply excl_sub. intros s [H|[H|(t & [] & _)]]; [by left | by right; left].
Qed.

Lemma initial_ok pid uid : pid <> 0 -> wf_proc (initial pid uid) /\ excl (initial pid uid).
Proof.
  intros Hp. assert (Hz : mask64 0) by (split; [done|]; intros i; by rewrite Z.testbit_0_l).
  split; [split; cbn; auto; constructor|]. intros s _ [H|[H|(t & [] & _)]]; cbn in H; by rewrite Z.testbit_0_l in H.
Qed.

Lemma reachable_ok pid uid p : pid <> 0 -> rtc proc_step (initial pid uid) p -> wf_proc p /\ excl p.
Proof.
  intros Hp Hr. destruct (initial_ok pid uid Hp) as [H He]. revert H He.
  induction Hr as [p|p q r Hs _ IH]; [done|]. intros H He. destruct (proc_step_ok p q H He Hs). by apply IH.
Qed.

(** *** Dispositions and parks *)

(** The new disposition of [s] lets no pending signal through that the old one
    ignored. *)
Definition lets_nothing_through p s p' : Prop := is_ignored p s = true -> pends p s -> is_ignored p' s = true.

(** What a running task does: to the signals of its process, to a disposition,
    or an exec that drops the other threads. *)
Inductive task_step (actor : Z) p : Process -> Prop :=
  | ts_signal p' : sig_step actor p p' -> task_step actor p p'
  | ts_sigaction s h fl m : 0 <= s -> lets_nothing_through p s (fst (sys_sigaction p s h fl m)) -> task_step actor p (fst (sys_sigaction p s h fl m))
  | ts_handler s h : 0 <= s -> lets_nothing_through p s (fst (sys_signal p s h)) -> task_step actor p (fst (sys_signal p s h))
  | ts_clear_threads : task_step actor p (clear_threads p).

Lemma set_action_fields st s a : blocked (fst (set_action st s a)) = blocked st
  /\ forall x, x <> s -> 0 <= s -> 0 <= x -> action_at (fst (set_action st s a)) x = action_at st x.
Proof.
  unfold set_action. destruct (_ || _); [done|]. destruct (should_discard_pending _ _); cbn [fst]; (split; [done|]);
    intros x Hx Hs Hx0; unfold action_at; cbn; rewrite !nth_lookup, list_lookup_insert_ne by lia; done.
Qed.

Lemma new_action_targets p s a (b : bool) tid : wf_proc p -> 0 <= s ->
  let p' := set_sig p (fst (set_action (p_signals p) s a)) in
  let p'' := if b then clear_directed_signal p' s else p' in
  (is_ignored p s = true -> pends p'' s -> is_ignored p'' s = true) -> interrupts p'' tid = true -> interrupts p tid = true.
Proof.
  intros H Hs0 p' p'' Hlet. destruct (new_action_ok p s a b H) as [H'' _]. cbv zeta in H''. fold p' in H''. fold p'' in H''.
  destruct (set_action_fields (p_signals p) s a) as [Hbl Hact].
  assert (proc_le p' p'') as [L1 L2 L3 L4 L5 L6 L7] by (unfold p''; destruct b; [apply clear_directed_fades|apply proc_le_refl]).
  apply interrupts_sub; [done|done|by rewrite L1|exact L2|by rewrite L4|etrans; [exact L5|apply set_action_bits]|exact L6|exact L7|].
  intros x Hv Hp Hi. destruct (decide (x = s)) as [->|Hne].
  - destruct (is_ignored p s) eqn:E; [|done]. rewrite Hlet in Hi; done.
  - rewrite (is_ignored_eq p' p'') in Hi by done. revert Hi. unfold is_ignored, get_action, p'. cbn [set_sig p_signals].
    rewrite Hact by (unfold valid in Hv; lia). done.
Qed.

Lemma discard_if_fades (b : bool) p s : fades p (if b then discard_pending_signal p s else p).
Proof. destruct b; [apply discard_fades|apply fades_refl]. Qed.

Lemma sub_pends p p' s : proc_le p p' -> pends p' s -> pends p s.
Proof.
  intros [_ _ _ _ L5 L6 L7] [H|[H|(t & Ht & H)]]; [left; auto|right; left; auto|].
  right; right. apply list_elem_of_In, list_elem_of_lookup_1 in Ht as (i & Hi). destruct (Forall2_lookup_r _ _ _ _ _ L7 Hi) as (t0 & Hi0 & _ & _ & Hs).
  exists t0. split; [by eapply list_elem_of_In, list_elem_of_lookup_2|auto].
Qed.

Lemma disposition_keeps actor p p1 p' s a (b : bool) : wf_proc p -> 0 <= s -> fades p p1 ->
  p' = (let q := set_sig p1 (fst (set_action (p_signals p1) s a)) in if b then clear_directed_signal q s else q) ->
  lets_nothing_through p s p' -> keeps actor p p'.
Proof.
  intros H Hs [Hle Hn] -> Hlet. pose proof (wf_le _ _ H Hle) as H1. destruct (new_action_ok p1 s a b H1) as [H2 N2]. cbv zeta in *.
  split; [done|destruct b; simpl; apply Hle|..].
  - destruct b; unfold notes in *; simpl in *; lia.
  - intros _ tid _ Hi. apply (interrupts_le p p1); [done..|]. eapply (new_action_targets p1 s a b tid H1 Hs); [|exact Hi].
    cbv zeta. intros Hign Hp. apply Hlet; [by rewrite <- (is_ignored_eq p p1) by apply Hle|]. apply (sub_pends p p1); [done|]. by apply N2.
Qed.

Lemma sigaction_keeps actor p s h fl m : wf_proc p -> 0 <= s -> lets_nothing_through p s (fst (sys_sigaction p s h fl m)) ->
  keeps actor p (fst (sys_sigaction p s h fl m)).
Proof.
  intros H Hs Hlet. assert (keeps actor p p) as Hr by (apply keeps_fades; [done|apply fades_refl]). revert Hlet. unfold sys_sigaction.
  destruct (out_of_range s); [done|]. destruct (_ || _); [done|]. set (b := should_discard_pending s (handler_of_value h)).
  pose proof (discard_if_fades b p s) as Hf. set (p1 := if b then discard_pending_signal p s else p) in *. set (a := mkAction _ fl m).
  pose proof (disposition_keeps actor p p1 _ s a b H Hs Hf eq_refl) as Hk. cbv zeta in Hk.
  destruct (set_action (p_signals p1) s a) as [st [old|]]; cbn [fst] in *; [done|]. intros _. by apply keeps_fades.
Qed.

Lemma signal_keeps actor p s h : wf_proc p -> 0 <= s -> lets_nothing_through p s (fst (sys_signal p s h)) -> keeps actor p (fst (sys_signal p s h)).
Proof.
  intros H Hs Hlet. assert (keeps actor p p) as Hr by (apply keeps_fades; [done|apply fades_refl]). revert Hlet. unfold sys_signal.
  destruct (_ || _); [done|]. set (b := should_discard_pending s (handler_of_value h)).
  pose proof (discard_if_fades b p s) as Hf. set (p1 := if b then discard_pending_signal p s else p) in *. set (old := action_at (p_signals p1) s).
  pose proof (disposition_keeps actor p p1 _ s (mkAction (handler_of_value h) (flags old) (mask old)) b H Hs Hf eq_refl) as Hk. cbv zeta in Hk.
  pose proof (fst_set_handler (p_signals p1) s (handler_of_value h)) as Hh. fold old in Hh. rewrite <- Hh in Hk.
  destruct (set_handler (p_signals p1) s _) as [st [o|]]; cbn [fst] in *; [done|]. intros _. by apply keeps_fades.
Qed.

Lemma clear_threads_keeps actor p : wf_proc p -> keeps actor p (clear_threads p).
Proof.
  intros H. assert (wf_proc (clear_threads p)) as H' by (destruct H as [H1 H2 H3 H4 H5 H6 H7]; split; cbn; auto; constructor).
  split; [done|done|done|]. intros _ tid _. unfold interrupts. rewrite !andb_true_iff, !targets_spec by done.
  intros [Hl (Hst & x & s & Hd & Hv & Hb & Hi & Hs)]. unfold is_live_explicit_tid in Hl. cbn in Hl. rewrite orb_false_r in Hl.
  apply andb_true_iff in Hl as [Hl Ht]. apply Z.eqb_eq in Ht as ->. change (is_running_or_stopped (clear_threads p)) with (is_running_or_stopped p) in Hl.
  split; [unfold is_live_explicit_tid; by rewrite Hl, Z.eqb_refl|]. split; [done|]. exists x, s. unfold directed_bits in *. cbn in Hd. rewrite Z.eqb_refl in *. split; [done|]. split; [done|].
  split; [revert Hb; unfold blocked_for, is_main_thread; cbn; by rewrite Z.eqb_refl, orb_true_r|]. split; [done|].
  destruct Hs as [Hs|[Hs Hp]]; [by left|]. right. split; [done|]. revert Hp. unfold pick_thread_for_shared_signal. cbn.
  assert (is_live_explicit_tid (clear_threads p) (p_pid p) = is_live_explicit_tid p (p_pid p)) as -> by (unfold is_live_explicit_tid; cbn; by rewrite Z.eqb_refl).
  destruct (_ || _); [done|]. by destruct (has_bit (blocked (p_signals p)) s).
Qed.

Lemma task_step_keeps actor p p' : wf_proc p -> task_step actor p p' -> keeps actor p p'.
Proof.
  intros H [q Hs|s h fl m Hs Hlet|s h Hs Hlet|]; [by apply sig_step_keeps|by apply sigaction_keeps|by apply signal_keeps|by apply clear_threads_keeps].
Qed.
End JobControl.

(** ** Temporary masks of one task *)

Section Frames.
Implicit Types (p : Process) (tid : Z).

(** The mask of a task with its saved masks and its handlers. *)
Record Frame : Type := mkFrame {
  f_mask : Z; f_waits : list SignalMaskWaitContext; f_depth : Z; f_returned : list Z }.
Implicit Types f : Frame.

Definition thread_frame (t : PerThreadSignalState) : Frame :=
  mkFrame (thread_blocked t) (mask_waits t) (caught_handler_depth t) (returned_handler_depths t).
Definition frame p tid : option Frame :=
  if is_main_thread p tid then Some (mkFrame (blocked (p_signals p)) (p_mask_waits p) (p_handler_depth p) (p_returned p))
  else option_map thread_frame (get_thread p tid).

Definition f_set_mask (m : Z) f : Frame := mkFrame m (f_waits f) (f_depth f) (f_returned f).
Definition f_set_waits ws f : Frame := mkFrame (f_mask f) ws (f_depth f) (f_returned f).
Definition f_set_depth d f : Frame := mkFrame (f_mask f) (f_waits f) d (f_returned f).
Definition f_set_returned rs f : Frame := mkFrame (f_mask f) (f_waits f) (f_depth f) rs.

(** One task's view of the operations. *)
Definition f_push k (m : Z) f : Frame := f_set_mask m (f_set_waits (f_waits f ++ [mkWait (f_mask f) m k Active]) f).
Definition f_enter k (m : Z) f : Frame :=
  match last (f_waits f) with
  | Some w =>
      if bool_decide (kind w = k) && (replacement_mask w =? m) && (f_mask f =? replacement_mask w)
         && match wait_state w with Active => true | Interrupted d => f_depth f <? d end
      then f_set_waits (removelast (f_waits f) ++ [with_state w Active]) f
      else f_push k m f
  | None => f_push k m f
  end.
Definition f_finish k f : Frame * bool :=
  match last (f_waits f) with
  | Some w =>
      if bool_decide (kind w = k) && bool_decide (wait_state w = Active)
      then (f_set_mask (saved_mask w) (f_set_waits (removelast (f_waits f)) f), true) else (f, false)
  | None => (f, false)
  end.
Definition f_return f : Frame := if f_depth f =? 0 then f else f_set_returned (f_returned f ++ [f_depth f]) (f_set_depth (f_depth f - 1) f).
Definition f_acknowledge f : Frame := f_set_returned (removelast (f_returned f)) f.
Definition f_install (am s : Z) f : Frame * Z :=
  let depth := saturating_add u32_max (f_depth f) 1 in
  let f1 := f_set_depth depth f in
  let '(f2, restore) :=
    match last (f_waits f) with
    | Some w =>
        if bool_decide (wait_state w = Active) then
          if bool_decide (kind w = EpollPwait) then (f_set_waits (removelast (f_waits f)) f1, saved_mask w)
          else (f_set_waits (removelast (f_waits f) ++ [with_state w (Interrupted depth)]) f1, f_mask f)
        else (f1, f_mask f)
    | None => (f1, f_mask f)
    end in
  (f_set_mask (Z.lor (Z.lor (f_mask f) am) (sig_bit s)) f2, restore).

(** *** The operations act on one frame *)

Lemma get_update p tid g t :
  get_thread (update_thread p tid g) t = if t =? tid then option_map g (get_thread p t) else get_thread p t.
Proof.
  unfold get_thread. cbn. induction (p_threads p) as [|[i u] l IH]; cbn [update_first List.find fst snd]; [by destruct (t =? tid)|].
  destruct (Z.eqb_spec i tid) as [->|Hi]; cbn [List.find fst].
  - rewrite (Z.eqb_sym tid t). destruct (Z.eqb_spec t tid); [done|]. done.
  - destruct (Z.eqb_spec i t) as [->|Ht]; [|done]. by rewrite (proj2 (Z.eqb_neq t tid)) by lia.
Qed.

Lemma frame_known p tid : known_thread p tid = match frame p tid with Some _ => true | None => false end.
Proof. unfold known_thread, frame. destruct (is_main_thread p tid); [done|]. by destruct (get_thread p tid). Qed.

(** An update of one frame. *)
Definition on_frame p tid p' (g : Frame -> Frame) : Prop :=
  p_pid p' = p_pid p /\ forall t, frame p' t = if same_task p tid t then option_map g (frame p t) else frame p t.

Lemma on_frame_main p tid p' g : is_main_thread p tid = true -> p_pid p' = p_pid p -> p_threads p' = p_threads p ->
  mkFrame (blocked (p_signals p')) (p_mask_waits p') (p_handler_depth p') (p_returned p') =
    g (mkFrame (blocked (p_signals p)) (p_mask_waits p) (p_handler_depth p) (p_returned p)) ->
  on_frame p tid p' g.
Proof.
  intros Hm Hp Ht Hg. split; [done|]. intros t. unfold frame, same_task, is_main_thread, get_thread in *. rewrite Hp, Ht, Hm. cbn [andb].
  destruct ((t =? 0) || (t =? p_pid p)) eqn:Em; cbn [orb option_map]; [by rewrite Hg|].
  destruct (Z.eqb_spec tid t) as [->|Hne]; [congruence | done].
Qed.

Lemma on_frame_thread p tid (g : Frame -> Frame) h : is_main_thread p tid = false ->
  (forall t, thread_frame (h t) = g (thread_frame t)) -> on_frame p tid (update_thread p tid h) g.
Proof.
  intros Hm Hg. split; [done|]. intros t. unfold frame, same_task. rewrite Hm. cbn [andb orb].
  change (is_main_thread (update_thread p tid h) t) with (is_main_thread p t). rewrite get_update, (Z.eqb_sym tid t).
  destruct (Z.eqb_spec t tid) as [->|Hne]; [|done]. rewrite Hm. destruct (get_thread p tid); [|done]. cbn. by rewrite Hg.
Qed.

Lemma set_mask_waits_frame p tid ws : on_frame p tid (set_mask_waits_for p tid ws) (f_set_waits ws).
Proof. unfold set_mask_waits_for. destruct (is_main_thread p tid) eqn:E; [by apply on_frame_main | by apply on_frame_thread]. Qed.
Lemma set_depth_frame p tid d : on_frame p tid (set_caught_handler_depth_for p tid d) (f_set_depth d).
Proof. unfold set_caught_handler_depth_for. destruct (is_main_thread p tid) eqn:E; [by apply on_frame_main | by apply on_frame_thread]. Qed.
Lemma set_returned_frame p tid rs : on_frame p tid (set_returned_for p tid rs) (f_set_returned rs).
Proof. unfold set_returned_for. destruct (is_main_thread p tid) eqn:E; [by apply on_frame_main | by apply on_frame_thread]. Qed.

Lemma same_task_refl p tid : same_task p tid tid = true.
Proof. unfold same_task. by rewrite Z.eqb_refl, orb_true_r. Qed.

Lemma frame_same_task p a b : same_task p a b = true -> frame p a = frame p b.
Proof.
  unfold same_task, frame. intros [[Ha Hb]%andb_true_iff| ->%Z.eqb_eq]%orb_true_iff; [by rewrite Ha, Hb | done].
Qed.

Lemma on_frame_id p tid : on_frame p tid p (fun f => f).
Proof. split; [done|]. intros t. destruct (same_task p tid t); [|done]. by destruct (frame p t). Qed.

Lemma on_frame_trans p q r tid g h : on_frame p tid q g -> on_frame q tid r h -> on_frame p tid r (fun f => h (g f)).
Proof.
  intros [E1 H1] [E2 H2]. split; [congruence|]. intros t. rewrite H2, H1.
  replace (same_task q tid t) with (same_task p tid t) by (unfold same_task, is_main_thread; by rewrite E1).
  destruct (same_task p tid t); [|done]. by destruct (frame p t).
Qed.

Lemma on_frame_ext p q tid g h : on_frame p tid q g -> (forall f, frame p tid = Some f -> g f = h f) -> on_frame p tid q h.
Proof.
  intros [E H] Hgh. split; [done|]. intros t. rewrite H. destruct (same_task p tid t) eqn:Es; [|done].
  rewrite <- (frame_same_task _ _ _ Es). destruct (frame p tid) as [f|]; [|done]. cbn. by rewrite Hgh.
Qed.

Lemma set_blocked_frame p tid m : on_frame p tid (fst (set_blocked_for p tid m)) (f_set_mask m).
Proof.
  unfold set_blocked_for. destruct (known_thread p tid) eqn:Ek; cbn [negb fst].
  - assert (Hc : forall q, on_frame p tid q (f_set_mask m) -> on_frame p tid (call q NoteSignalGenerated) (f_set_mask m)).
    { intros q [E H]. split; [done|]. intros t. rewrite <- H. done. }
    set (p1 := if is_main_thread p tid then _ else _).
    assert (H1 : on_frame p tid p1 (f_set_mask m)) by (unfold p1; destruct (is_main_thread p tid) eqn:E; [by apply on_frame_main | by apply on_frame_thread]).
    destruct (negb _); [by apply Hc | done].
  - apply (on_frame_ext _ _ _ _ _ (on_frame_id p tid)). intros f Hf. by rewrite frame_known, Hf in Ek.
Qed.

Lemma accessors p tid f : frame p tid = Some f ->
  blocked_for p tid = f_mask f /\ mask_waits_for p tid = Some (f_waits f) /\ caught_handler_depth_for p tid = f_depth f /\
  returned_handler_depths_for p tid = Some (f_returned f).
Proof.
  unfold frame, blocked_for, mask_waits_for, caught_handler_depth_for, returned_handler_depths_for.
  destruct (is_main_thread p tid); [by intros [= <-]|]. destruct (get_thread p tid); [|done]. by intros [= <-].
Qed.

Lemma push_frame p tid f ws m : frame p tid = Some f ->
  on_frame p tid (fst (set_blocked_for (set_mask_waits_for p tid ws) tid m)) (fun f => f_set_mask m (f_set_waits ws f)).
Proof. intros Hf. exact (on_frame_trans _ _ _ _ _ _ (set_mask_waits_frame p tid ws) (set_blocked_frame _ tid m)). Qed.

Lemma enter_frame p tid f k m : frame p tid = Some f -> on_frame p tid (enter_signal_mask_wait_for p tid k m) (f_enter k m).
Proof.
  intros Hf. destruct (accessors p tid f Hf) as (Eb & Ew & Ed & _). unfold enter_signal_mask_wait_for. rewrite Ew, Eb.
  destruct (last (f_waits f)) as [w|] eqn:El.
  - unfold reusable. rewrite Eb, Ed. destruct (_ && _) eqn:Er.
    + apply (on_frame_ext _ _ _ _ _ (set_mask_waits_frame p tid _)). intros f' Hf'. rewrite Hf in Hf'. simplify_eq.
      unfold f_enter. by rewrite El, Er.
    + apply (on_frame_ext _ _ _ _ _ (push_frame p tid f _ m Hf)). intros f' Hf'. rewrite Hf in Hf'. simplify_eq.
      unfold f_enter. by rewrite El, Er.
  - apply (on_frame_ext _ _ _ _ _ (push_frame p tid f _ m Hf)). intros f' Hf'. rewrite Hf in Hf'. simplify_eq. unfold f_enter. by rewrite El.
Qed.

Lemma finish_frame p tid f k : frame p tid = Some f ->
  on_frame p tid (fst (finish_signal_mask_wait_for p tid k)) (fun f => fst (f_finish k f)) /\
  snd (finish_signal_mask_wait_for p tid k) = snd (f_finish k f).
Proof.
  intros Hf. destruct (accessors p tid f Hf) as (_ & Ew & _ & _). unfold finish_signal_mask_wait_for, f_finish. rewrite Ew.
  assert (Hid : forall g : Frame -> Frame, g f = f -> on_frame p tid p g).
  { intros g Hg. apply (on_frame_ext _ _ _ _ _ (on_frame_id p tid)). intros f' Hf'. rewrite Hf in Hf'. by simplify_eq. }
  destruct (last (f_waits f)) as [w|] eqn:El; cbn [fst snd]; [|split; [apply Hid; by rewrite El|done]].
  destruct (_ && _) eqn:Er; cbn [fst snd]; [|split; [apply Hid; by rewrite El, Er|done]]. split; [|done].
  apply (on_frame_ext _ _ _ _ _ (push_frame p tid f _ _ Hf)). intros f' Hf'. rewrite Hf in Hf'. simplify_eq. by rewrite El, Er.
Qed.

Lemma return_frame p tid f : frame p tid = Some f -> on_frame p tid (fst (return_from_caught_handler_for p tid)) f_return.
Proof.
  intros Hf. destruct (accessors p tid f Hf) as (_ & _ & Ed & Er). unfold return_from_caught_handler_for. rewrite Ed.
  destruct (f_depth f =? 0) eqn:Ez; cbn [fst].
  - apply (on_frame_ext _ _ _ _ _ (on_frame_id p tid)). intros f' Hf'. rewrite Hf in Hf'. simplify_eq. unfold f_return. by rewrite Ez.
  - pose proof (set_depth_frame p tid (f_depth f - 1)) as H1. destruct H1 as [E1 H1].
    assert (Hf1 : frame (set_caught_handler_depth_for p tid (f_depth f - 1)) tid = Some (f_set_depth (f_depth f - 1) f)).
    { rewrite H1, same_task_refl, Hf. done. }
    destruct (accessors _ _ _ Hf1) as (_ & _ & _ & ->). cbn [f_returned f_set_depth].
    pose proof (on_frame_trans _ _ _ _ _ _ (conj E1 H1) (set_returned_frame _ tid (f_returned f ++ [f_depth f]))) as H2.
    apply (on_frame_ext _ _ _ _ _ H2). intros f' Hf'. rewrite Hf in Hf'. simplify_eq. unfold f_return. by rewrite Ez.
Qed.

Lemma acknowledge_frame p tid f : frame p tid = Some f ->
  on_frame p tid (acknowledge_caught_handler_mask_restore_for p tid) f_acknowledge.
Proof.
  intros Hf. destruct (accessors p tid f Hf) as (_ & _ & _ & Er). unfold acknowledge_caught_handler_mask_restore_for. rewrite Er.
  apply (on_frame_ext _ _ _ _ _ (set_returned_frame p tid _)). intros f' Hf'. rewrite Hf in Hf'. by simplify_eq.
Qed.

Lemma install_frame p tid f am s : frame p tid = Some f ->
  on_frame p tid (fst (install_caught_handler_mask_for p tid am s)) (fun f => fst (f_install am s f)) /\
  snd (install_caught_handler_mask_for p tid am s) = snd (f_install am s f).
Proof.
  intros Hf. destruct (accessors p tid f Hf) as (Eb & _ & Ed & _). unfold install_caught_handler_mask_for, f_install. rewrite Eb, Ed.
  set (d := saturating_add u32_max (f_depth f) 1).
  pose proof (set_depth_frame p tid d) as H1. set (p1 := set_caught_handler_depth_for p tid d) in *.
  assert (Hf1 : frame p1 tid = Some (f_set_depth d f)) by (destruct H1 as [_ H1]; rewrite H1, same_task_refl, Hf; done).
  destruct (accessors _ _ _ Hf1) as (_ & Ew & _ & _). cbn [f_waits f_set_depth] in Ew. rewrite Ew.
  pose proof (fun q g Hq => on_frame_trans p q _ tid g _ Hq (set_blocked_frame q tid (Z.lor (Z.lor (f_mask f) am) (sig_bit s)))) as Hend.
  pose proof (fun ws => on_frame_trans _ _ _ _ _ _ H1 (set_mask_waits_frame p1 tid ws)) as H2.
  assert (Hext : forall q g, on_frame p tid q g -> g f = fst (f_install am s f) -> on_frame p tid q (fun f => fst (f_install am s f))).
  { intros q g Hq Hg. apply (on_frame_ext _ _ _ _ _ Hq). intros f' Hf'. rewrite Hf in Hf'. by simplify_eq. }
  unfold f_install in Hext. fold d in Hext.
  destruct (last (f_waits f)) as [w|] eqn:El; [destruct (bool_decide (wait_state w = Active)) eqn:Ea; [destruct (bool_decide (kind w = EpollPwait)) eqn:Ee|]|];
    cbn [fst snd] in *; (split; [|done]).
  - eapply Hext; [exact (Hend _ _ (H2 _))|]. done.
  - eapply Hext; [exact (Hend _ _ (H2 _))|]. done.
  - eapply Hext; [exact (Hend _ _ H1)|]. done.
  - eapply Hext; [exact (Hend _ _ H1)|]. done.
Qed.

(** *** Sessions *)

(** What a task does between two points of its own code ([None]), or while it
    waits with a temporary mask ([Some (k, m)]): other tasks act, the wait is
    retried, and caught handlers run to their return, after which the wait is
    restarted. A handler that interrupts an [epoll_pwait] ends it. *)
Inductive session (tid : Z) : option (SignalMaskWaitKind * Z) -> Process -> Process -> Prop :=
  | se_other o p q : frame q tid = frame p tid -> session tid o p q
  | se_app o p q r : session tid o p q -> session tid o q r -> session tid o p r
  | se_wait k m p q : session tid (Some (k, m)) (enter_signal_mask_wait_for p tid k m) q ->
      session tid None p (fst (finish_signal_mask_wait_for q tid k))
  | se_retry k m p : session tid (Some (k, m)) p (enter_signal_mask_wait_for p tid k m)
  | se_handler p r am s : handler_run tid am s p r -> session tid None p r
  | se_restart k m p r am s : k <> EpollPwait -> handler_run tid am s p r ->
      session tid (Some (k, m)) p (enter_signal_mask_wait_for r tid k m)
  | se_epoll m p q r am s : session tid (Some (EpollPwait, m)) (enter_signal_mask_wait_for p tid EpollPwait m) q ->
      handler_run tid am s q r -> session tid None p r
(** A caught handler: its mask is installed, its body runs, and its normal
    return restores the mask. *)
with handler_run (tid : Z) : Z -> Z -> Process -> Process -> Prop :=
  | handler_runs am s p q : 0 <= caught_handler_depth_for p tid < u32_max ->
      session tid None (fst (install_caught_handler_mask_for p tid am s)) q ->
      handler_run tid am s p
        (acknowledge_caught_handler_mask_restore_for
           (fst (set_blocked_for (fst (return_from_caught_handler_for q tid)) tid (snd (install_caught_handler_mask_for p tid am s)))) tid).

Scheme session_rect' := Minimality for session Sort Prop
  with handler_rect' := Minimality for handler_run Sort Prop.
Combined Scheme session_handler_ind from session_rect', handler_rect'.

(** The task runs its own code: the wait on top, if any, is interrupted by a
    handler that still runs. *)
Definition ready f : Prop :=
  match last (f_waits f) with Some w => exists d, wait_state w = Interrupted d /\ d <= f_depth f | None => True end.

(** What a task is in while it waits. *)
Definition waiting (k : SignalMaskWaitKind) (m : Z) f g : Prop := ready f /\ g = f_push k m f.

Lemma removelast_snoc {A} (l : list A) x : removelast (l ++ [x]) = l.
Proof. apply removelast_last. Qed.

Lemma enter_ready k m f : ready f -> f_enter k m f = f_push k m f.
Proof.
  unfold ready, f_enter. destruct (last (f_waits f)) as [w|]; [|done]. intros (d & -> & Hd).
  rewrite (proj2 (Z.ltb_ge _ _) Hd). by rewrite andb_false_r.
Qed.

Lemma enter_waiting k m f : f_enter k m (f_push k m f) = f_push k m f.
Proof.
  unfold f_enter, f_push at 1. cbn [f_waits f_set_mask f_set_waits]. rewrite last_snoc. cbn [kind replacement_mask wait_state].
  rewrite bool_decide_eq_true_2 by done. rewrite !Z.eqb_refl. cbn [andb]. unfold f_push. cbn. by rewrite removelast_snoc.
Qed.

Lemma finish_waiting k m f : f_finish k (f_push k m f) = (f, true).
Proof.
  unfold f_finish, f_push at 1. cbn [f_waits f_set_mask f_set_waits]. rewrite last_snoc. cbn [kind wait_state saved_mask].
  rewrite !bool_decide_eq_true_2 by done. cbn. rewrite removelast_snoc. by destruct f.
Qed.

(** The handler leaves the frame its entry left, with the mask it restores. *)
Definition f_handled (am s : Z) f : Frame :=
  let g := fst (f_install am s f) in f_acknowledge (f_set_mask (snd (f_install am s f)) (f_return g)).

Lemma handled_ready am s f : ready f -> 0 <= f_depth f < u32_max ->
  ready (fst (f_install am s f)) /\ f_handled am s f = f.
Proof.
  intros Hr Hd. assert (Hs : saturating_add u32_max (f_depth f) 1 = f_depth f + 1) by (unfold saturating_add; lia).
  unfold f_handled, f_install. rewrite Hs. unfold ready in Hr.
  assert (He : match last (f_waits f) with
    | Some w => if bool_decide (wait_state w = Active) then
        if bool_decide (kind w = EpollPwait) then (f_set_waits (removelast (f_waits f)) (f_set_depth (f_depth f + 1) f), saved_mask w)
        else (f_set_waits (removelast (f_waits f) ++ [with_state w (Interrupted (f_depth f + 1))]) (f_set_depth (f_depth f + 1) f), f_mask f)
      else (f_set_depth (f_depth f + 1) f, f_mask f)
    | None => (f_set_depth (f_depth f + 1) f, f_mask f) end = (f_set_depth (f_depth f + 1) f, f_mask f)).
  { destruct (last (f_waits f)) as [w|]; [|done]. destruct Hr as (d & -> & _). done. }
  rewrite He. cbn [fst snd]. split.
  - unfold ready. cbn. destruct (last (f_waits f)) as [w|]; [|done]. destruct Hr as (d & -> & Hle). exists d. split; [done|lia].
  - unfold f_return. cbn [f_depth f_set_mask f_set_depth]. rewrite (proj2 (Z.eqb_neq (f_depth f + 1) 0)) by lia.
    unfold f_acknowledge. cbn. rewrite removelast_snoc. replace (f_depth f + 1 - 1) with (f_depth f) by lia. by destruct f.
Qed.

Lemma handled_waiting am s k m f : ready f -> 0 <= f_depth f < u32_max ->
  ready (fst (f_install am s (f_push k m f))) /\
  (k <> EpollPwait -> f_enter k m (f_handled am s (f_push k m f)) = f_push k m f) /\
  (k = EpollPwait -> f_handled am s (f_push k m f) = f).
Proof.
  intros Hr Hd. assert (Hs : saturating_add u32_max (f_depth f) 1 = f_depth f + 1) by (unfold saturating_add; lia).
  unfold f_handled, f_install. cbn [f_push f_depth f_waits f_mask f_set_mask f_set_waits]. rewrite Hs, last_snoc, removelast_snoc.
  cbn [wait_state kind saved_mask]. rewrite bool_decide_eq_true_2 by done.
  destruct (bool_decide (k = EpollPwait)) eqn:Ek; cbn [fst snd].
  - apply bool_decide_eq_true in Ek. split_and!; [|done|].
    + unfold ready in *. cbn. destruct (last (f_waits f)) as [w|]; [|done]. destruct Hr as (d & -> & Hle). exists d. split; [done|lia].
    + intros _. unfold f_return, f_acknowledge. cbn. rewrite (proj2 (Z.eqb_neq (f_depth f + 1) 0)) by lia. cbn. rewrite removelast_snoc.
      replace (f_depth f + 1 - 1) with (f_depth f) by lia. by destruct f.
  - apply bool_decide_eq_false in Ek. split_and!; [|intros _|done].
    + unfold ready. cbn. rewrite last_snoc. exists (f_depth f + 1). split; [done|lia].
    + unfold f_return, f_acknowledge. cbn. rewrite (proj2 (Z.eqb_neq (f_depth f + 1) 0)) by lia. cbn. rewrite removelast_snoc.
      replace (f_depth f + 1 - 1) with (f_depth f) by lia. unfold f_enter. cbn. rewrite last_snoc. cbn.
      rewrite bool_decide_eq_true_2 by done. rewrite !Z.eqb_refl, (proj2 (Z.ltb_lt _ _)) by lia. cbn. by rewrite removelast_snoc.
Qed.

Lemma on_frame_at p tid p' g f : on_frame p tid p' g -> frame p tid = Some f -> frame p' tid = Some (g f).
Proof. intros [_ H] Hf. by rewrite H, same_task_refl, Hf. Qed.

(** The state a session keeps. *)
Definition in_session (o : option (SignalMaskWaitKind * Z)) f : Prop :=
  match o with None => ready f | Some (k, m) => exists f0, ready f0 /\ f = f_push k m f0 end.

Lemma session_keeps tid :
  (forall o p q, session tid o p q -> forall f, frame p tid = Some f -> in_session o f -> frame q tid = Some f) /\
  (forall am s p q, handler_run tid am s p q -> forall f, frame p tid = Some f -> ready (fst (f_install am s f)) ->
     0 <= f_depth f < u32_max /\ frame q tid = Some (f_handled am s f)).
Proof.
  apply session_handler_ind.
  - intros o p q E f Hf _. congruence.
  - intros o p q r _ IH1 _ IH2 f Hf Ho. by apply IH2, Ho; apply IH1.
  - intros k m p q _ IH f Hf Ho. pose proof (on_frame_at _ _ _ _ _ (enter_frame p tid f k m Hf) Hf) as H1.
    rewrite (enter_ready k m f Ho) in H1. assert (H2 : frame q tid = Some (f_push k m f)) by (apply IH; [done|]; by exists f).
    rewrite (on_frame_at _ _ _ _ _ (proj1 (finish_frame q tid _ k H2)) H2). by rewrite finish_waiting.
  - intros k m p f Hf (f0 & Hr & ->). rewrite (on_frame_at _ _ _ _ _ (enter_frame p tid _ k m Hf) Hf). by rewrite enter_waiting.
  - intros p r am s Hh IH f Hf Ho.
    assert (Hd : 0 <= f_depth f < u32_max) by (inversion Hh; subst; by destruct (accessors p tid f Hf) as (_ & _ & <- & _)).
    destruct (handled_ready am s f Ho Hd) as [H1 H2]. destruct (IH f Hf H1) as [_ H3]. congruence.
  - intros k m p r am s Hk Hh IH f Hf (f0 & Hr & ->).
    assert (Hd : 0 <= f_depth f0 < u32_max) by (inversion Hh; subst; destruct (accessors p tid _ Hf) as (_ & _ & Ed & _); cbn in Ed; lia).
    destruct (handled_waiting am s k m f0 Hr Hd) as (H1 & H2 & _). destruct (IH _ Hf H1) as [_ H3].
    rewrite (on_frame_at _ _ _ _ _ (enter_frame r tid _ k m H3) H3). by rewrite H2.
  - intros m p q r am s _ IH Hh IHh f Hf Ho. pose proof (on_frame_at _ _ _ _ _ (enter_frame p tid f EpollPwait m Hf) Hf) as H1.
    rewrite (enter_ready _ m f Ho) in H1. assert (H2 : frame q tid = Some (f_push EpollPwait m f)) by (apply IH; [done|]; by exists f).
    assert (Hd : 0 <= f_depth f < u32_max) by (inversion Hh; subst; destruct (accessors q tid _ H2) as (_ & _ & Ed & _); cbn in Ed; lia).
    destruct (handled_waiting am s EpollPwait m f Ho Hd) as (H3 & _ & H4). destruct (IHh _ H2 H3) as [_ H5]. rewrite H5. f_equal. by apply H4.
  - intros am s p q Hd _ IH f Hf Hr. destruct (accessors p tid f Hf) as (_ & _ & Ed & _). rewrite Ed in Hd. split; [done|].
    destruct (install_frame p tid f am s Hf) as [Hi Hres]. pose proof (on_frame_at _ _ _ _ _ Hi Hf) as H1.
    pose proof (IH _ H1 Hr) as H2. pose proof (on_frame_at _ _ _ _ _ (return_frame q tid _ H2) H2) as H3.
    pose proof (on_frame_at _ _ _ _ _ (set_blocked_frame _ tid (snd (install_caught_handler_mask_for p tid am s))) H3) as H4.
    rewrite (on_frame_at _ _ _ _ _ (acknowledge_frame _ tid _ H4) H4). unfold f_handled. by rewrite Hres.
Qed.
End Frames.

(** ** Properties *)

Section Properties.
Implicit Types (p : Process) (tid s : Z).

(** No signal wakeup is lost: whatever one task does to the signals and
    dispositions of its process, another task that the next sweep would
    interrupt was one already, or the parks have been told to sweep. Left out
    is a disposition that lets a pending signal through which was ignored. *)
Theorem no_signal_wakeup_is_lost pid uid p actor p' tid : pid <> 0 -> rtc proc_step (initial pid uid) p ->
  task_step actor p p' -> same_task p actor tid = false ->
  interrupts p' tid = true -> interrupts p tid = true \/ (notes p < notes p')%nat.
Proof.
  intros Hpid Hr Hs Ht Hi. destruct (reachable_ok pid uid p Hpid Hr) as [H _].
  destruct (task_step_keeps actor p p' H Hs) as [_ _ Hn Hk].
  destruct (Nat.eq_dec (notes p') (notes p)) as [E|E]; [left; by apply Hk | right; lia].
Qed.

(** C28. The decision of the sweep, with its loop over the bits of the shared set,
    is the declarative one: the process is not stopped and some signal that
    the task does not block and that is not ignored is directed at the task,
    or is shared and picks it. *)
Theorem signal_targets_task_iff pid uid p tid : pid <> 0 -> rtc proc_step (initial pid uid) p ->
  signal_targets_task p tid = true <->
  p_state p <> Stopped /\ exists x s, directed_bits p tid = Some x /\ valid s /\
    Z.testbit (blocked_for p tid) (s - 1) = false /\ is_ignored p s = false /\
    (Z.testbit x (s - 1) = true \/ Z.testbit (shared_bits p) (s - 1) = true /\ pick_thread_for_shared_signal p s = Some tid).
Proof. intros Hpid Hr. apply targets_spec. by destruct (reachable_ok pid uid p Hpid Hr). Qed.

(** A pending shared signal that is not ignored and that some thread of a
    running process accepts interrupts exactly the first thread that accepts
    it, the main one first; that thread does not block it. *)
Theorem shared_signal_reaches_first_acceptor pid uid p s tid rest : pid <> 0 -> rtc proc_step (initial pid uid) p ->
  p_pid p <> 1 -> p_state p = Running -> valid s -> Z.testbit (shared_bits p) (s - 1) = true -> is_ignored p s = false ->
  tids_accepting p s = tid :: rest ->
  pick_thread_for_shared_signal p s = Some tid /\ interrupts p tid = true /\ Z.testbit (blocked_for p tid) (s - 1) = false.
Proof.
  intros Hpid Hr H1 Hst Hv Hs Hi Ha. destruct (reachable_ok pid uid p Hpid Hr) as [H _].
  assert (Hlive : forall t, t <> 0 -> directed_bits p t <> None -> is_live_explicit_tid p t = true).
  { intros t Ht Hd. unfold is_live_explicit_tid, is_running_or_stopped. rewrite Hst, (proj2 (Z.eqb_neq (p_pid p) 1) H1), (proj2 (Z.eqb_neq t 0) Ht).
    cbn [negb andb]. unfold directed_bits in Hd. rewrite (Z.eqb_sym t). destruct (p_pid p =? t); [done|]. by destruct (get_thread p t). }
  assert (Hin : In tid (tids_accepting p s)) by (rewrite Ha; by left).
  destruct (accepting_unblocked p s tid H Hv Hin) as [Hb Hd].
  assert (Hpick : pick_thread_for_shared_signal p s = Some tid).
  { rewrite pick_is_first_accepting; [by rewrite Ha|]. apply Hlive; [apply H|]. unfold directed_bits. by rewrite Z.eqb_refl. }
  assert (Ht0 : tid <> 0).
  { intros ->. unfold tids_accepting in Hin. rewrite out_of_range_valid in Hin by done. apply in_app_iff in Hin as [Hin|Hin].
    - destruct (negb _); [|done]. destruct Hin as [Hin|[]]. by apply (wp_pid _ H).
    - apply in_map_iff in Hin as (t & Ht & [Hin _]%filter_In). by destruct (proj1 (List.Forall_forall _ _) (wp_foreign _ H) t Hin). }
  split; [done|]. split; [|done]. unfold interrupts. rewrite Hlive by done. cbn [andb]. apply targets_spec; [done|].
  split; [congruence|]. destruct (directed_bits p tid) as [x|]; [|done]. exists x, s. split_and!; auto.
Qed.

(** Job control: in every reachable process a stop signal and [SIGCONT] are
    never both pending, in the shared queue or for any of its threads. *)
Theorem stop_and_continue_exclude pid uid p s : pid <> 0 -> rtc proc_step (initial pid uid) p -> is_stop_signal s = true ->
  ~ (signal_pending_anywhere p SIGCONT = true /\ signal_pending_anywhere p s = true).
Proof.
  intros Hpid Hr Hs. destruct (reachable_ok pid uid p Hpid Hr) as [H He]. destruct (stop_signal_valid s Hs) as [Hv _].
  assert (Hp : forall x, valid x -> signal_pending_anywhere p x = true -> pends p x).
  { intros x Hx. unfold signal_pending_anywhere. rewrite out_of_range_valid, !has_bit_spec by done.
    intros [[Ha|Ha]%orb_true_iff|(t & Ht & Hb)%existsb_exists]%orb_true_iff; [by left|by right; left|].
    rewrite has_bit_spec in Hb by done. right; right. by exists t. }
  intros [H1 H2]. apply (He s Hs); apply Hp; auto. unfold valid, SIGCONT. lia.
Qed.

Lemma clear_list_state l p : p_state (fold_left clear_signal_everywhere l p) = p_state p /\ p_ruid (fold_left clear_signal_everywhere l p) = p_ruid p.
Proof.
  revert p. induction l as [|x l IH]; intros p; [done|]. cbn [fold_left]. destruct (IH (clear_signal_everywhere p x)) as [-> ->]. done.
Qed.

Lemma continue_resumes p : p_state p = Stopped -> p_state (fst (record_continue p)) = Running /\
  p_wait_event (fst (record_continue p)) = Some (mkEvent EVENT_CONTINUED 65535 CLD_CONTINUED SIGCONT (p_ruid p)).
Proof. intros Hst. unfold record_continue. by rewrite Hst, bool_decide_eq_true_2. Qed.

Lemma prepare_resumes p : p_state p = Stopped -> p_state (prepare_signal_generation p SIGCONT) = Running /\
  p_wait_event (prepare_signal_generation p SIGCONT) = Some (mkEvent EVENT_CONTINUED 65535 CLD_CONTINUED SIGCONT (p_ruid p)).
Proof.
  intros Hst. unfold prepare_signal_generation. rewrite out_of_range_valid by (unfold valid, SIGCONT; lia). rewrite Z.eqb_refl.
  pose proof (clear_list_state [SIGSTOP; SIGTSTP; SIGTTIN; SIGTTOU] (call p NoteSignalGenerated)) as [E1 E2].
  generalize dependent (fold_left clear_signal_everywhere [SIGSTOP; SIGTSTP; SIGTTIN; SIGTTOU] (call p NoteSignalGenerated)).
  intros q E1 E2. cbn [p_state p_ruid call] in E1, E2. rewrite <- E2. apply continue_resumes. congruence.
Qed.

(** Generating [SIGCONT], to the process or to any thread it has, resumes a
    stopped process and records the continue event for its parent, whether the
    signal is blocked, ignored or caught. *)
Theorem sigcont_always_resumes p tid v c a b : p_state p = Stopped ->
  let p1 := fst (raise_signal_with_metadata p SIGCONT v c a b) in
  let p2 := fst (raise_for_thread_with_metadata p tid SIGCONT v c a b) in
  let ev := Some (mkEvent EVENT_CONTINUED 65535 CLD_CONTINUED SIGCONT (p_ruid p)) in
  p_state p1 = Running /\ p_wait_event p1 = ev /\
  (known_thread p tid = true -> p_state p2 = Running /\ p_wait_event p2 = ev).
Proof.
  intros Hst p1 p2 ev. pose proof (prepare_resumes p Hst) as Hq.
  unfold p1, p2, raise_for_thread_with_metadata, raise_directed, raise_signal_with_metadata.
  rewrite out_of_range_valid by (unfold valid, SIGCONT; lia).
  generalize dependent (prepare_signal_generation p SIGCONT). intros q [Hs He].
  split; [|split].
  - destruct (raise_internal _ _ _ _ _ _). exact Hs.
  - destruct (raise_internal _ _ _ _ _ _). exact He.
  - intros ->. cbn [negb]. destruct (should_discard_pending _ _); [by split|].
    destruct (is_main_thread _ _); [by destruct (thread_raise_internal _ _ _ _ _ _)|]. by destruct (get_thread _ _).
Qed.

(** Temporary masks nest: however waits with a replacement mask, their
    retries, caught handlers (nested ones too), restarts and the actions of
    other tasks follow one another, a task that comes back to its own code has
    the mask, the saved waits and the handler depth it had. *)
Theorem mask_waits_restore tid p q f : frame p tid = Some f -> ready f -> session tid None p q ->
  frame q tid = Some f /\ blocked_for q tid = blocked_for p tid.
Proof.
  intros Hf Hr Hs. pose proof (proj1 (session_keeps tid) _ _ _ Hs f Hf Hr) as Hq. split; [done|].
  destruct (accessors p tid f Hf) as (-> & _). by destruct (accessors q tid f Hq) as (-> & _).
Qed.
End Properties.

(** ** Witnesses *)

(** Process 5 with thread 9; the main thread blocks SIGUSR1 (10). *)
Definition sp0 : Process := initial 5 1000.
Definition sp1 : Process := add_allocated_thread sp0 9.
Definition sp2 : Process := fst (set_blocked_for sp1 5 512).
Definition sp3 : Process := fst (raise_signal_with_metadata sp2 10 0 0 0 0).

Lemma sp2_reachable : rtc proc_step (initial 5 1000) sp2.
Proof.
  eapply rtc_l; [apply (ps_signal _ 9), ss_add_thread; cbn; lia|]. eapply rtc_l; [apply (ps_signal _ 5), ss_mask|]. apply rtc_refl.
Qed.
Lemma sp3_reachable : rtc proc_step (initial 5 1000) sp3.
Proof. eapply rtc_r; [exact sp2_reachable|]. apply (ps_signal _ 5), ss_raise. lia. Qed.

Lemma no_signal_wakeup_is_lost_witness : interrupts sp2 9 = false /\ interrupts sp3 9 = true /\
  (interrupts sp2 9 = true \/ (notes sp2 < notes sp3)%nat).
Proof.
  split; [vm_compute; reflexivity|]. split; [vm_compute; reflexivity|].
  apply (no_signal_wakeup_is_lost 5 1000 sp2 5 sp3 9); [lia|exact sp2_reachable| |vm_compute; reflexivity|vm_compute; reflexivity].
  apply ts_signal, ss_raise. lia.
Defined.

Lemma signal_targets_task_iff_witness : signal_targets_task sp3 9 = true /\ p_state sp3 <> Stopped.
Proof.
  assert (H : signal_targets_task sp3 9 = true) by (vm_compute; reflexivity). split; [exact H|].
  exact (proj1 (proj1 (signal_targets_task_iff 5 1000 sp3 9 ltac:(lia) sp3_reachable) H)).
Defined.

Lemma shared_signal_reaches_first_acceptor_witness : tids_accepting sp3 10 = [9] /\
  pick_thread_for_shared_signal sp3 10 = Some 9 /\ interrupts sp3 9 = true.
Proof.
  split; [vm_compute; reflexivity|].
  destruct (shared_signal_reaches_first_acceptor 5 1000 sp3 10 9 []) as (H1 & H2 & _);
    [lia|exact sp3_reachable|vm_compute; lia|reflexivity|unfold valid; lia|vm_compute; reflexivity..|]. split; [exact H1 | exact H2].
Defined.

Definition sp4 : Process := fst (raise_signal_with_metadata sp3 SIGTSTP 0 0 0 0).
Definition sp5 : Process := fst (raise_for_thread_with_metadata sp4 9 SIGCONT 0 0 0 0).
Lemma sp5_reachable : rtc proc_step (initial 5 1000) sp5.
Proof.
  eapply rtc_r; [eapply rtc_r; [exact sp3_reachable|]|].
  - apply (ps_signal _ 5 sp4). apply ss_raise. unfold SIGTSTP. lia.
  - apply (ps_signal _ 5 sp5). apply ss_raise_thread. unfold SIGCONT. lia.
Qed.
Lemma stop_and_continue_exclude_witness : signal_pending_anywhere sp4 SIGTSTP = true /\ signal_pending_anywhere sp5 SIGCONT = true /\
  ~ (signal_pending_anywhere sp5 SIGCONT = true /\ signal_pending_anywhere sp5 SIGTSTP = true).
Proof.
  split; [vm_compute; reflexivity|]. split; [vm_compute; reflexivity|].
  apply (stop_and_continue_exclude 5 1000); [lia| |vm_compute; reflexivity].
  exact sp5_reachable.
Defined.

Lemma sigcont_always_resumes_witness : p_state (fst (record_stop sp3 SIGTSTP)) = Stopped /\
  p_state (fst (raise_signal_with_metadata (fst (record_stop sp3 SIGTSTP)) SIGCONT 0 0 0 0)) = Running.
Proof. split; [vm_compute; reflexivity|]. exact (proj1 (sigcont_always_resumes (fst (record_stop sp3 SIGTSTP)) 9 0 0 0 0 ltac:(reflexivity))). Defined.

(** [ppoll] with the empty mask on the main thread, a handler of signal 10 that
    runs [sigsuspend], and the restart. *)
Definition sw1 : Process := enter_signal_mask_wait_for sp2 5 Ppoll 0.
Definition sw2 : Process := fst (install_caught_handler_mask_for sw1 5 0 10).
Definition sw3 : Process := fst (finish_signal_mask_wait_for (enter_signal_mask_wait_for sw2 5 Sigsuspend 7) 5 Sigsuspend).
Definition sw4 : Process := acknowledge_caught_handler_mask_restore_for
  (fst (set_blocked_for (fst (return_from_caught_handler_for sw3 5)) 5 (snd (install_caught_handler_mask_for sw1 5 0 10)))) 5.
Definition sw5 : Process := fst (finish_signal_mask_wait_for (enter_signal_mask_wait_for sw4 5 Ppoll 0) 5 Ppoll).

Lemma mask_waits_restore_witness : blocked_for sw1 5 = 0 /\ blocked_for sw2 5 = 512 /\ blocked_for sw5 5 = blocked_for sp2 5.
Proof.
  split; [vm_compute; reflexivity|]. split; [vm_compute; reflexivity|].
  refine (proj2 (mask_waits_restore 5 sp2 sw5 (mkFrame 512 [] 0 []) ltac:(vm_compute; reflexivity) I _)).
  apply (se_wait 5 Ppoll 0). apply (se_restart 5 Ppoll 0 sw1 sw4 0 10); [discriminate|].
  apply handler_runs; [vm_compute; split; [discriminate | reflexivity]|]. apply (se_wait 5 Sigsuspend 7). apply se_other. reflexivity.
Defined.
