(* ===== verification/WaitPark.v ===== *)
(** * Parked system calls (crates/runtime-core/src/wait_park.rs)

    The kernel withholds the result of a blocking system call and decides it
    later: on a futex wake, a deadline, a signal, a child event, the
    re-execution of the call, a cancellation or the end of the task. [Parks]
    keeps the queue of WaitQueue.v, how each park is answered, and the decided
    results until a host collects them.

    Also here: the arguments of [wait4] and [waitid] (wait_child.rs), of
    [rt_sigtimedwait] (wait_signal.rs) and of a re-executable call
    (wait_retry.rs). The table of processes is a map from pids to the processes
    of ProcSignal.v. Writing into the memory of a guest is a parameter. *)

From S2P Require Import Prelude Signal ProcSignal WaitQueue.

(** ** What is parked *)

Inductive ChildWaitOutput : Type := Wait4 (status rusage : Z) | Waitid (siginfo rusage : Z).
Record ChildWait : Type := mkChildWait {
  cw_target : Z; cw_event_mask : Z; peek : bool; nohang : bool; output : ChildWaitOutput }.

Definition WNOHANG : Z := 1.
Definition WUNTRACED : Z := 2.
Definition WSTOPPED : Z := WUNTRACED.
Definition WEXITED : Z := 4.
Definition WCONTINUED : Z := 8.
Definition WNOWAIT : Z := 16777216.
Definition P_ALL : Z := 0.
Definition P_PID : Z := 1.
Definition P_PGID : Z := 2.
Definition i32_min : Z := -2147483648.

(** The events the options ask for. *)
Definition event_bits (exited : bool) (options : Z) : Z :=
  Z.lor (Z.lor (if exited then EVENT_EXITED else 0)
               (if has_flag options (Z.lor WUNTRACED WSTOPPED) then EVENT_STOPPED else 0))
        (if has_flag options WCONTINUED then EVENT_CONTINUED else 0).

Definition wait4 (pid status options rusage : Z) : result ChildWait :=
  if negb (Z.ldiff options (Z.lor (Z.lor (Z.lor WNOHANG WUNTRACED) WSTOPPED) WCONTINUED) =? 0) then Err EINVAL
  else if pid =? i32_min then Err ESRCH
  else Ok (mkChildWait pid (event_bits true options) false (has_flag options WNOHANG) (Wait4 status rusage)).

Definition waitid_target (idtype idv : Z) : option Z :=
  if (idtype =? P_PID) && (0 <? idv) && (idv <=? i32_max) then Some idv
  else if (idtype =? P_PGID) && (idv =? 0) then Some 0
  else if (idtype =? P_PGID) && (0 <? idv) && (idv <=? i32_max) then Some (- idv)
  else if idtype =? P_ALL then Some (-1)
  else None.
Definition waitid (idtype idv options siginfo rusage : Z) : result ChildWait :=
  let allowed := Z.lor (Z.lor (Z.lor (Z.lor (Z.lor WNOHANG WNOWAIT) WEXITED) WSTOPPED) WUNTRACED) WCONTINUED in
  if negb (Z.ldiff options allowed =? 0) then Err EINVAL
  else match waitid_target idtype idv with
       | None => Err EINVAL
       | Some t =>
           let m := event_bits (has_flag options WEXITED) options in
           if m =? 0 then Err EINVAL
           else Ok (mkChildWait t m (has_flag options WNOWAIT) (has_flag options WNOHANG) (Waitid siginfo rusage))
       end.

Definition freeze_caller_group (w : ChildWait) (caller_pgid : Z) : ChildWait :=
  if (cw_target w =? 0) && (caller_pgid <=? i32_max)
  then mkChildWait (- caller_pgid) (cw_event_mask w) (peek w) (nohang w) (output w) else w.
Definition reaps (w : ChildWait) (e : ChildWaitEvent) : bool := negb (peek w) && (event_mask e =? EVENT_EXITED).

Record SigWait : Type := mkSigWait { sw_mask : Z; sw_info : Z; sw_timeout_ns : option Z }.

Record WasmFlock : Type := mkFlock {
  l_type : Z; l_whence : Z; l_pad1 : Z; l_start : Z; l_len : Z; l_pid : Z; l_pad2 : Z }.
Inductive RetryOp : Type :=
  | FcntlLock (fd cmd : Z) (flock : WasmFlock) (tok : Z)
  | FlockOp (fd oper : Z) (tok : Z)
  | Transfer (syscall fd buf count flags pipe tok : Z) (restart : bool).

Definition SYS_READ : Z := 3.
Definition SYS_WRITE : Z := 4.
Definition SYS_SEND : Z := 55.
Definition SYS_RECV : Z := 56.
Definition SYS_SENDTO : Z := 62.
Definition SYS_RECVFROM : Z := 63.
Definition transfer_reads (syscall : Z) : bool := (syscall =? SYS_READ) || (syscall =? SYS_RECV) || (syscall =? SYS_RECVFROM).
Definition op_source (o : RetryOp) : WakeSource :=
  match o with Transfer _ _ _ _ _ pipe _ _ => SrcPipe pipe | _ => SrcAdvisoryLock end.
Definition restartable (o : RetryOp) : bool := match o with Transfer _ _ _ _ _ _ _ r => r | _ => true end.
Definition token (o : RetryOp) : Z :=
  match o with FcntlLock _ _ _ t | FlockOp _ _ t | Transfer _ _ _ _ _ _ t _ => t end.
Definition F_OFD_SETLKW : Z := 38.
Definition fcntl_lock_blocks (cmd : Z) : bool := (cmd =? 7) || (cmd =? 14) || (cmd =? F_OFD_SETLKW).
Definition LOCK_UN : Z := 8.
Definition LOCK_NB : Z := 4.
Definition flock_blocks (oper : Z) : bool :=
  (Z.land oper LOCK_NB =? 0) && negb (Z.ldiff oper LOCK_NB =? LOCK_UN).

Inductive Resume : Type :=
  | RFutex (bitset : Z) (timeout_ns : option Z)
  | RSleep (rem : option Z) (dl : Z)
  | RChild (w : ChildWait)
  | RSuspend
  | RSigTimed (w : SigWait)
  | RRetry (o : RetryOp).

Definition FLAG_SUPPRESS_RESTART : Z := 1.
Definition FLAG_CANCELLED : Z := 2.

Definition woken_value (r : Resume) : Z := 0.
Definition deadline_value (r : Resume) : Z :=
  match r with
  | RFutex _ _ => - errno_code ETIMEDOUT
  | RSleep _ _ => 0
  | RRetry (Transfer _ _ _ _ _ _ _ _) => - errno_code EAGAIN
  | RChild _ | RSuspend | RRetry _ => - errno_code ETIMEDOUT
  | RSigTimed _ => - errno_code EAGAIN
  end.
Definition interrupted_flags (r : Resume) : Z :=
  match r with
  | RFutex _ (Some _) => FLAG_SUPPRESS_RESTART
  | RFutex _ None => 0
  | RSleep _ _ => FLAG_SUPPRESS_RESTART
  | RChild _ => 0
  | RRetry o => if restartable o then 0 else FLAG_SUPPRESS_RESTART
  | RSuspend | RSigTimed _ => FLAG_SUPPRESS_RESTART
  end.

Record Remainder : Type := mkRem { rem_addr : Z; rem_deadline : Z }.
Definition interrupted_remainder (r : Resume) : option Remainder :=
  match r with RSleep (Some a) d => Some (mkRem a d) | _ => None end.
Definition timespec_at (r : Remainder) (now : Z) : list Z :=
  let left := Z.max (i64_saturating_sub (rem_deadline r) now) 0 in
  le_bytes 8 (left / 1000000000) ++ le_bytes 8 (left mod 1000000000).

(** ** Decided results *)

Record Completion : Type := mkCompletion {
  generation : Z; c_pid : Z; c_tid : Z; value : Z; c_flags : Z; remainder : option Remainder }.

Definition RECORD_BYTES : Z := 24.
(** [encode]: the generation, pid, tid, value and flags at their offsets, in a
    record of [RECORD_BYTES]. *)
Definition encode (c : Completion) : list Z :=
  le_bytes 8 (generation c) ++ le_bytes 4 (c_pid c) ++ le_bytes 4 (c_tid c) ++ le_bytes 4 (value c) ++ le_bytes 4 (c_flags c).

Record Parks : Type := mkParks {
  queue : WaitQueue unit;
  resume : gmap Z Resume;
  completions : list Completion;
  signals_dirty : bool;
  sweep_pids : list Z;
  last_park : option Z;
  children_dirty : bool;
  exit_notices : list Z;
  dirty_sources : list WakeSource;
  released : list (Z * Z * Z) }.

Definition new_parks : Parks := mkParks WaitQueue.new ∅ [] false [] None false [] [] [].

Section Methods.
Implicit Types k : Parks.

Definition set_queue k q : Parks :=
  mkParks q (resume k) (completions k) (signals_dirty k) (sweep_pids k) (last_park k) (children_dirty k) (exit_notices k) (dirty_sources k) (released k).
Definition set_resume k m : Parks :=
  mkParks (queue k) m (completions k) (signals_dirty k) (sweep_pids k) (last_park k) (children_dirty k) (exit_notices k) (dirty_sources k) (released k).
Definition set_completions k l : Parks :=
  mkParks (queue k) (resume k) l (signals_dirty k) (sweep_pids k) (last_park k) (children_dirty k) (exit_notices k) (dirty_sources k) (released k).
Definition set_sweep k all pids : Parks :=
  mkParks (queue k) (resume k) (completions k) all pids (last_park k) (children_dirty k) (exit_notices k) (dirty_sources k) (released k).
Definition set_children k b : Parks :=
  mkParks (queue k) (resume k) (completions k) (signals_dirty k) (sweep_pids k) (last_park k) b (exit_notices k) (dirty_sources k) (released k).
Definition set_notices k l : Parks :=
  mkParks (queue k) (resume k) (completions k) (signals_dirty k) (sweep_pids k) (last_park k) (children_dirty k) l (dirty_sources k) (released k).
Definition set_dirty k l : Parks :=
  mkParks (queue k) (resume k) (completions k) (signals_dirty k) (sweep_pids k) (last_park k) (children_dirty k) (exit_notices k) l (released k).
Definition set_released k l : Parks :=
  mkParks (queue k) (resume k) (completions k) (signals_dirty k) (sweep_pids k) (last_park k) (children_dirty k) (exit_notices k) (dirty_sources k) l.
Definition set_last_park k o : Parks :=
  mkParks (queue k) (resume k) (completions k) (signals_dirty k) (sweep_pids k) o (children_dirty k) (exit_notices k) (dirty_sources k) (released k).

(** ** Parking and ending a park *)

Definition park_task (p t : Z) (wk : WaitKind) (srcs : list WakeSource) (dl : option Z) (r : Resume) : op Parks Z := fun k =>
  match open_channel (queue k) with
  | Some (q, Ok c) =>
      match park (mkRequest p t c wk srcs dl None false) q with
      | (q1, Ok i) =>
          let k := set_resume (set_queue k q1) (<[i := r]> (resume k)) in
          Some (set_sweep k (signals_dirty k)
                  (if existsb (fun x => x =? p) (sweep_pids k) then sweep_pids k else sweep_pids k ++ [p]), Ok c)
      | (q1, Err e) => Some (set_queue k (release_channel c q1), Err e)
      end
  | Some (q, Err e) => Some (set_queue k q, Err e)
  | None => None
  end.

Definition finish_with (w : Wakeup unit) (v fl : Z) (rem : option Remainder) k : Parks :=
  let rel := match resume k !! w_id w with
             | Some (RRetry o) => released k ++ [(w_pid w, w_tid w, token o)]
             | _ => released k
             end in
  let k := set_released (set_resume k (delete (w_id w) (resume k))) rel in
  let k := set_queue k (release_channel (w_channel w) (queue k)) in
  set_completions k (completions k ++ [mkCompletion (w_channel w) (w_pid w) (w_tid w) v fl rem]).
Definition finish (w : Wakeup unit) (v fl : Z) k : Parks := finish_with w v fl None k.
Definition forget (w : Wakeup unit) k : Parks :=
  set_queue (set_resume k (delete (w_id w) (resume k))) (release_channel (w_channel w) (queue k)).

(** [for wakeup in woken { .. }]. *)
Definition for_each {A} (l : list A) (f : A -> Parks -> Parks) k : Parks := fold_left (fun k x => f x k) l k.

(** ** Futexes *)

Definition futex_accepts k (bitset : Z) (s : Sleeper unit) : bool :=
  match resume k !! id s with Some (RFutex mine _) => negb (Z.land mine bitset =? 0) | _ => false end.
Definition futex_wake (p addr : Z) (max : nat) (bitset : Z) k : Parks * nat :=
  let '(q, woken) := wake_limited (SrcFutex p addr) max (futex_accepts k bitset) (queue k) in
  (for_each woken (fun w k => finish w (match resume k !! w_id w with Some r => woken_value r | None => 0 end) 0 k) (set_queue k q),
   length woken).
Definition futex_requeue (p from to : Z) (max : nat) k : Parks * nat :=
  if from =? to then (k, 0%nat)
  else let '(q, n) := retarget (SrcFutex p from) (SrcFutex p to) max (queue k) in (set_queue k q, n).

(** ** Deadlines *)

Definition credit k (w : Wakeup unit) : list (Z * Z * Z) :=
  match resume k !! w_id w with
  | Some (RFutex _ (Some ns)) => [(w_pid w, w_tid w, ns)]
  | Some (RSigTimed sw) => match sw_timeout_ns sw with Some ns => [(w_pid w, w_tid w, ns)] | None => [] end
  | _ => []
  end.
Definition expire_one (w : Wakeup unit) (st : Parks * list (Z * Z * Z)) : Parks * list (Z * Z * Z) :=
  let '(k, credits) := st in
  (finish w (match resume k !! w_id w with Some r => deadline_value r | None => - errno_code ETIMEDOUT end) 0 k,
   credits ++ credit k w).
Definition expire_parks (now : Z) k : Parks * list (Z * Z * Z) :=
  let '(q, woken) := expire now (queue k) in
  fold_left (fun st w => expire_one w st) woken (set_queue k q, []).

Definition is_some {A} (o : option A) : bool := match o with Some _ => true | None => false end.
Definition has_deadline k : Parks * bool :=
  let '(q, d) := next_deadline_ns (queue k) in (set_queue k q, is_some d).
Definition needs_clock k : Parks * bool :=
  let '(k, b) := has_deadline k in (k, b || existsb (fun c => is_some (remainder c)) (completions k)).
Definition next_timeout_ns (now : Z) k : Parks * option Z :=
  let '(q, d) := next_deadline_ns (queue k) in
  (set_queue k q, option_map (fun d => Z.max (i64_saturating_sub d now) 0) d).

(** ** Child events, signals of a set, re-execution *)

Definition waiters {A} k (f : Resume -> option A) : list (Z * Z * Z * A) :=
  omap (fun s => match resume k !! id s with
                 | Some r => option_map (fun a => (id s, pid s, tid s, a)) (f r)
                 | None => None
                 end) (sleepers (queue k)).
Definition child_of (r : Resume) : option ChildWait := match r with RChild w => Some w | _ => None end.
Definition sigwait_of (r : Resume) : option SigWait := match r with RSigTimed w => Some w | _ => None end.
Definition retry_of (dirty : list WakeSource) (r : Resume) : option RetryOp :=
  match r with RRetry o => if existsb (fun x => bool_decide (x = op_source o)) dirty then Some o else None | _ => None end.

Definition note_children_changed k : Parks := set_children k true.
Definition take_dirty_child_waiters k : Parks * option (list (Z * Z * Z * ChildWait)) :=
  if negb (children_dirty k) then (set_children k false, None) else (set_children k false, Some (waiters k child_of)).
Definition dirty_signal_waiters k : list (Z * Z * Z * SigWait) := if negb (signals_dirty k) then [] else waiters k sigwait_of.
Definition take_dirty_retry_waiters k : Parks * list (Z * Z * Z * RetryOp) :=
  match dirty_sources k with
  | [] => (k, [])
  | dirty => (set_dirty k [], waiters k (retry_of dirty))
  end.

(** The decision of one park by its id. *)
Definition decide_one (i : Z) (reason : WakeReason) (v fl : Z) k : Parks * bool :=
  match remove_with_reason i reason (queue k) with
  | (q, Some w) => (finish w v fl (set_queue k q), true)
  | (q, None) => (set_queue k q, false)
  end.
Definition finish_child_waiter (i parent v : Z) k : Parks * bool := decide_one i (BySource (SrcChildEvent parent)) v 0 k.
Definition finish_signal_waiter (i p t v : Z) k : Parks * bool := decide_one i (BySource (SrcSignal p t)) v 0 k.
Definition finish_retry_waiter_with_flags (i : Z) (o : RetryOp) (v fl : Z) k : Parks * bool := decide_one i (BySource (op_source o)) v fl k.
Definition finish_retry_waiter (i : Z) (o : RetryOp) (v : Z) k : Parks * bool := finish_retry_waiter_with_flags i o v 0 k.

Definition is_empty k : bool := match sleepers (queue k) with [] => true | _ => false end.
Definition note_source_ready (source : WakeSource) k : Parks :=
  if negb (is_empty k) && negb (existsb (fun x => bool_decide (x = source)) (dirty_sources k))
  then set_dirty k (dirty_sources k ++ [source]) else k.
Definition note_signal_generated k : Parks := if negb (is_empty k) then set_sweep k true (sweep_pids k) else k.
Definition take_released_retry_bindings k : Parks * list (Z * Z * Z) := (set_released k [], released k).

Definition note_parked_result (g : Z) k : Parks := set_last_park k (Some g).
Definition take_parked_result k : Parks * option Z := (set_last_park k None, last_park k).
Definition note_child_exited (p : Z) k : Parks := set_children (set_notices k (exit_notices k ++ [p])) true.
Definition take_exit_notices k : Parks * list Z := (set_notices k [], exit_notices k).
Definition requeue_exit_notices (pids : list Z) k : Parks :=
  match pids with [] => k | _ => set_notices k (pids ++ exit_notices k) end.

(** ** Signals *)

(** What the sweep decides of one sleeper. *)
Inductive Verdict : Type := Leave | Interrupt | Retire.
Definition verdict (table : gmap Z Process) (all : bool) (pids : list Z) (s : Sleeper unit) : Verdict :=
  if negb all && negb (existsb (fun x => x =? pid s) pids) then Leave
  else match table !! pid s with
       | Some proc =>
           if is_live_explicit_tid proc (tid s) then if signal_targets_task proc (tid s) then Interrupt else Leave
           else Retire
       | None => Retire
       end.
Definition is_interrupt (v : Verdict) : bool := match v with Interrupt => true | _ => false end.
Definition is_retire (v : Verdict) : bool := match v with Retire => true | _ => false end.

Definition retire_one (i : Z) k : Parks :=
  match remove_with_reason i Retired (queue k) with
  | (q, Some w) => forget w (set_queue k q)
  | (q, None) => set_queue k q
  end.
Definition interrupt_one (i : Z) k : Parks :=
  match remove_with_reason i Interrupted (queue k) with
  | (q, Some w) =>
      let k := set_queue k q in
      let r := resume k !! w_id w in
      finish_with w (- errno_code EINTR) (match r with Some r => interrupted_flags r | None => 0 end)
        (match r with Some r => interrupted_remainder r | None => None end) k
  | (q, None) => set_queue k q
  end.
Definition sweep_signals (table : gmap Z Process) k : Parks :=
  let all := signals_dirty k in
  let pids := sweep_pids k in
  let k := set_sweep k false [] in
  if negb all && match pids with [] => true | _ => false end then k
  else
    let v := verdict table all pids in
    let interrupt := map id (List.filter (fun s => is_interrupt (v s)) (sleepers (queue k))) in
    let retire := map id (List.filter (fun s => is_retire (v s)) (sleepers (queue k))) in
    for_each interrupt interrupt_one (for_each retire retire_one k).
Definition settle (table : gmap Z Process) k : Parks * bool :=
  let k := sweep_signals table k in (k, match completions k with [] => false | _ => true end).

(** ** Cancellation and the end of a task *)

Definition cancel_parked (p t : Z) k : Parks * bool :=
  let '(q, woken) := cancel_task p t (queue k) in
  (for_each woken (fun w => finish w (- errno_code EINTR) FLAG_CANCELLED) (set_queue k q), match woken with [] => false | _ => true end).
Definition retire_task (p t : Z) k : Parks :=
  let '(q, woken) := cancel_task p t (queue k) in for_each woken forget (set_queue k q).
Definition retire_parks (p : Z) k : Parks :=
  let '(q, woken) := retire_process p (queue k) in
  let k := for_each woken forget (set_queue k q) in
  let k := set_completions k (List.filter (fun c => negb (c_pid c =? p)) (completions k)) in
  set_released k (List.filter (fun r => negb (fst (fst r) =? p)) (released k)).

(** ** Collection *)

(** [write_guest] threads the guest memories. *)
Section Drain.
Context {G : Type} (write_guest : G -> Z -> Z -> list Z -> G * bool).

Definition settle_remainder (now : Z) (g : G) (c : Completion) : G * Completion :=
  match remainder c with
  | Some r =>
      let '(g, ok) := write_guest g (c_pid c) (rem_addr r) (timespec_at r now) in
      (g, mkCompletion (generation c) (c_pid c) (c_tid c) (if ok then value c else - errno_code EFAULT) (c_flags c) None)
  | None => (g, c)
  end.
Fixpoint drain_records (now : Z) (g : G) (cs : list Completion) : G * list Z :=
  match cs with
  | [] => (g, [])
  | c :: cs =>
      let '(g, c) := settle_remainder now g c in
      let '(g, bytes) := drain_records now g cs in
      (g, encode c ++ bytes)
  end.
(** The buffer after the call has the records first and the rest as it was. *)
Definition drain (out : list Z) (max now : Z) (g : G) k : Parks * G * list Z * Z :=
  let fit := Z.min (lenZ out / RECORD_BYTES) max in
  let count := Z.min fit (lenZ (completions k)) in
  let '(g, bytes) := drain_records now g (take (Z.to_nat count) (completions k)) in
  (set_completions k (drop (Z.to_nat count) (completions k)), g, bytes ++ drop (Z.to_nat (count * RECORD_BYTES)) out, count).
End Drain.

Definition take_completions k : Parks * list Completion := (set_completions k [], completions k).
End Methods.

(** ** Well-formed parks *)

Section Invariant.
Implicit Types (k : Parks) (w : Wakeup unit) (s : Sleeper unit).

(** Who waits, under which generation. *)
Definition tri_s s : Z * Z * Z := (channel s, pid s, tid s).
Definition tri_w w : Z * Z * Z := (w_channel w, w_pid w, w_tid w).
Definition tri_c (c : Completion) : Z * Z * Z := (generation c, c_pid c, c_tid c).

(** The queue is well formed; the answers and the live generations are those
    of the sleepers, and of the sleepers [ws] just taken off the queue; each
    generation carries one sleeper. *)
Record ok_with k (ws : list (Wakeup unit)) : Prop := {
  ow_wf : wf (queue k);
  ow_dom : forall i, is_Some (resume k !! i) <-> In i (map id (sleepers (queue k)) ++ map w_id ws);
  ow_ids : NoDup (map id (sleepers (queue k)) ++ map w_id ws);
  ow_chan : NoDup (map channel (sleepers (queue k)) ++ map w_channel ws);
  ow_live : forall c, c ∈ live_channels (queue k) -> In c (map channel (sleepers (queue k)) ++ map w_channel ws) }.
Definition ok k : Prop := ok_with k [].

(** What operations keep of a queue besides its sleepers and live channels. *)
Definition same_minting (q q' : WaitQueue unit) : Prop :=
  next_waiter q' = next_waiter q /\ next_generation q' = next_generation q.

Lemma new_parks_ok : ok new_parks.
Proof.
  split; cbn; [apply wf_new| |constructor|constructor|set_solver].
  intros i. rewrite lookup_empty. split; [by intros [? ?] | done].
Qed.

Definition retry_token (w : Wakeup unit) (o : option Resume) : list (Z * Z * Z) :=
  match o with Some (RRetry op) => [(w_pid w, w_tid w, token op)] | _ => [] end.

Lemma NoDup_middle {A} (l l' : list A) x : NoDup (l ++ x :: l') -> NoDup (l ++ l') /\ ~ In x l /\ ~ In x l'.
Proof.
  rewrite <- Permutation_middle, NoDup_cons. rewrite list_elem_of_In, in_app_iff. tauto.
Qed.

Lemma in_middle {A} (l l' : list A) x y : In y (l ++ x :: l') <-> y = x \/ In y (l ++ l').
Proof. rewrite !in_app_iff. cbn. intuition congruence. Qed.

(** The state after one wakeup has been answered or dropped. *)
Lemma leave_ok k w ws k' : ok_with k (w :: ws) -> queue k' = release_channel (w_channel w) (queue k) ->
  resume k' = delete (w_id w) (resume k) -> ok_with k' ws.
Proof.
  intros [H1 H2 H3 H4 H5] Eq Er. cbn [map] in *. apply NoDup_middle in H3 as (H3 & Hi1 & Hi2). apply NoDup_middle in H4 as (H4 & Hc1 & Hc2).
  split; rewrite ?Eq, ?Er; auto.
  - apply (so_wf _ _ _ (release_channel_ok (queue k) (w_channel w) H1 ltac:(apply List.Forall_forall; intros s Hs He; apply Hc1; rewrite <- He; by apply in_map))).
  - intros i. destruct (decide (i = w_id w)) as [->|Hne].
    + rewrite lookup_delete_eq. split; [by intros [? ?]|]. rewrite in_app_iff. cbn. tauto.
    + rewrite lookup_delete_ne by done. rewrite H2, in_middle. cbn. intuition congruence.
  - cbn. intros c Hc. apply elem_of_difference in Hc as [Hc Hne]. apply H5, in_middle in Hc as [->|Hc]; [set_solver | done].
Qed.

(** Answering a list of wakeups: each gets its completion, in order, computed
    from the way it was parked, and its retry binding is released. *)
Section Answer.
Context (v fl : Wakeup unit -> option Resume -> Z) (rm : Wakeup unit -> option Resume -> option Remainder).
Definition answer w k : Parks := finish_with w (v w (resume k !! w_id w)) (fl w (resume k !! w_id w)) (rm w (resume k !! w_id w)) k.
Definition answered k w : Completion :=
  mkCompletion (w_channel w) (w_pid w) (w_tid w) (v w (resume k !! w_id w)) (fl w (resume k !! w_id w)) (rm w (resume k !! w_id w)).

Lemma answer_each ws k : ok_with k ws ->
  let k' := for_each ws answer k in
  ok k' /\ sleepers (queue k') = sleepers (queue k) /\ same_minting (queue k) (queue k') /\
  completions k' = completions k ++ map (answered k) ws /\
  released k' = released k ++ flat_map (fun w => retry_token w (resume k !! w_id w)) ws.
Proof.
  revert k. induction ws as [|w ws IH]; intros k Hk; unfold for_each; cbn [fold_left map flat_map].
  - split; [done|]. split; [done|]. split; [by split|]. by rewrite !app_nil_r.
  - assert (Hk' : ok_with (answer w k) ws) by by eapply leave_ok.
    destruct (IH _ Hk') as (A1 & A2 & A3 & A4 & A5). fold (for_each ws answer (answer w k)).
    split; [done|]. split; [by rewrite A2|]. split; [exact A3|].
    assert (Hres : forall x, In x ws -> resume (answer w k) !! w_id x = resume k !! w_id x).
    { intros x Hx. cbn. rewrite lookup_delete_ne; [done|]. intros He. pose proof (ow_ids _ _ Hk) as Hn. cbn [map] in Hn.
      apply NoDup_middle in Hn as (_ & _ & Hn). apply Hn. rewrite He. by apply in_map. }
    split.
    + rewrite A4. cbn [completions answer finish_with set_completions set_queue set_released set_resume]. rewrite <- app_assoc. cbn [app].
      do 2 f_equal. apply map_ext_in. intros x Hx. unfold answered. by rewrite Hres.
    + rewrite A5. assert (He : released (answer w k) = released k ++ retry_token w (resume k !! w_id w)).
      { unfold answer, finish_with, retry_token. cbn. repeat case_match; by rewrite ?app_nil_r. }
      rewrite He, <- app_assoc. do 2 f_equal. rewrite !flat_map_concat_map. f_equal. apply map_ext_in. intros x Hx. by rewrite Hres.
Qed.
End Answer.

Lemma forget_each ws k : ok_with k ws ->
  let k' := for_each ws forget k in
  ok k' /\ sleepers (queue k') = sleepers (queue k) /\ same_minting (queue k) (queue k') /\
  completions k' = completions k /\ released k' = released k.
Proof.
  revert k. induction ws as [|w ws IH]; intros k Hk; unfold for_each; cbn [fold_left]; [done|].
  assert (Hk' : ok_with (forget w k) ws) by by eapply leave_ok.
  exact (IH _ Hk').
Qed.

(** Taking sleepers off the queue. *)
Lemma taken_ok k q' (gone : Sleeper unit -> bool) ds reason : ok k -> wf q' -> same_minting (queue k) q' ->
  sleepers q' = List.filter (fun s => negb (gone s)) (sleepers (queue k)) -> ds ≡ₚ List.filter gone (sleepers (queue k)) ->
  live_channels q' ⊆ live_channels (queue k) ->
  ok_with (set_queue k q') (map (fun s => into_wakeup s reason) ds).
Proof.
  intros [H1 H2 H3 H4 H5] Hw _ Es Hd Hl. cbn [map] in *. rewrite app_nil_r in *.
  assert (Hp : forall (B : Type) (f : Sleeper unit -> B), map f (sleepers q') ++ map f ds ≡ₚ map f (sleepers (queue k))).
  { intros B f. rewrite Es, <- map_app. apply Permutation_map. rewrite Hd. apply filter_split. }
  split; cbn [set_queue queue resume]; rewrite ?map_map; cbn [into_wakeup w_id w_channel]; auto.
  - intros i. rewrite H2. split; apply Permutation_in; [symmetry|]; apply (Hp Z id).
  - by rewrite (Hp Z id).
  - by rewrite (Hp Z channel).
  - intros c Hc. apply (Permutation_in _ (symmetry (Hp Z channel))). apply H5. set_solver.
Qed.

(** *** The operations *)

Lemma wake_limited_take k source max accept : ok k ->
  let ds := picked source max accept (sleepers (queue k)) in
  let gone := leaves (map id ds) in
  exists q', wake_limited source max accept (queue k) = (q', map (fun s => into_wakeup s (BySource source)) ds) /\
    ok_with (set_queue k q') (map (fun s => into_wakeup s (BySource source)) ds) /\
    sleepers q' = List.filter (fun s => negb (gone s)) (sleepers (queue k)) /\ ds ≡ₚ List.filter gone (sleepers (queue k)) /\
    same_minting (queue k) q'.
Proof.
  intros Hk ds gone. pose proof (ow_wf _ _ Hk) as Hw. rewrite wake_limited_spec by apply Hw. eexists. split; [done|].
  assert (Hp : ds ≡ₚ List.filter gone (sleepers (queue k))) by (apply leaves_perm; [apply Hw|apply picked_NoDup, Hw|apply picked_sub]).
  split; [|done]. apply (taken_ok k _ gone); auto; [|done].
  apply (so_wf _ _ _ (removed_ok (queue k) gone _ (BySource source) ds Hw Hp)).
Qed.

Lemma expire_take k now : ok k ->
  exists q' ds, expire now (queue k) = (q', map (fun s => into_wakeup s ByDeadline) ds) /\
    ok_with (set_queue k q') (map (fun s => into_wakeup s ByDeadline) ds) /\
    sleepers q' = List.filter (fun s => negb (due now s)) (sleepers (queue k)) /\
    ds ≡ₚ List.filter (due now) (sleepers (queue k)) /\ StronglySorted entry_le (map key ds) /\ same_minting (queue k) q'.
Proof.
  intros Hk. pose proof (ow_wf _ _ Hk) as Hw. pose proof (expire_ok now (queue k) Hw) as Hok. unfold expire in *.
  destruct (expire_loop_spec now (deadlines (queue k)) (sleepers (queue k)) (stats (queue k)) []) as (h & ds & E & Hp & Hs & _); try apply Hw.
  rewrite E in *. cbn [fst snd app] in *. eexists _, ds. split; [done|]. split; [|by split_and!].
  apply (taken_ok k _ (due now)); auto; [apply Hok|done].
Qed.

Definition of_task (p t : Z) s : bool := (pid s =? p) && (tid s =? t).
Lemma cancel_take k p t : ok k ->
  let ds := List.filter (of_task p t) (sleepers (queue k)) in
  exists q', cancel_task p t (queue k) = (q', map (fun s => into_wakeup s Interrupted) ds) /\
    ok_with (set_queue k q') (map (fun s => into_wakeup s Interrupted) ds) /\
    sleepers q' = List.filter (fun s => negb (of_task p t s)) (sleepers (queue k)) /\ same_minting (queue k) q'.
Proof.
  intros Hk ds. pose proof (ow_wf _ _ Hk) as Hw. unfold cancel_task.
  rewrite (remove_filter_spec _ _ (of_task p t) (queue k)) by apply Hw. eexists. split; [done|]. split; [|by split_and!].
  apply (taken_ok k _ (of_task p t)); auto; [|done].
  apply (so_wf _ _ _ (removed_ok (queue k) (of_task p t) _ Interrupted _ Hw (Permutation_refl _))).
Qed.

Definition on_channels (cs : list Z) s : bool := existsb (fun c => c =? channel s) cs.
Lemma retire_channels_spec cs (q : WaitQueue unit) : wf q ->
  exists ds, snd (retire_channels cs q) = map (fun s => into_wakeup s Retired) ds /\
    ds ≡ₚ List.filter (on_channels cs) (sleepers q) /\
    sleepers (fst (retire_channels cs q)) = List.filter (fun s => negb (on_channels cs s)) (sleepers q) /\
    live_channels (fst (retire_channels cs q)) ⊆ live_channels q /\ same_minting q (fst (retire_channels cs q)).
Proof.
  revert q. induction cs as [|c cs IH]; intros q Hw; cbn [retire_channels].
  - exists []. cbn. rewrite filter_none, filter_true by done. split_and!; done.
  - pose proof (so_wf _ _ _ (retire_channel_ok c q Hw)) as Hw1. rewrite (retire_channel_spec c q) in * by apply Hw.
    set (q1 := set_stats _ _) in *. cbn [fst] in Hw1. destruct (IH q1 Hw1) as (ds & E1 & E2 & E3 & E4 & E5).
    destruct (retire_channels cs q1) as [q2 more]. cbn [fst snd] in *.
    exists (List.filter (fun s => channel s =? c) (sleepers q) ++ ds). rewrite map_app, E1. split; [done|].
    assert (Hs1 : sleepers q1 = List.filter (fun s => negb (channel s =? c)) (sleepers q)) by done. rewrite Hs1 in E2, E3.
    assert (Hc : forall s, on_channels (c :: cs) s = (channel s =? c) || on_channels cs s).
    { intros s. unfold on_channels. cbn [existsb]. by rewrite (Z.eqb_sym c). }
    split_and!.
    + rewrite E2, filter_and. rewrite <- (filter_split (fun s => channel s =? c) (List.filter (on_channels (c :: cs)) (sleepers q))).
      rewrite !filter_and, Permutation_app_comm. match goal with |- ?a ≡ₚ ?b => enough (a = b) as -> by done end.
      f_equal; apply List.filter_ext; intros s; rewrite Hc;
        by destruct (channel s =? c), (on_channels cs s).
    + rewrite E3, filter_and. apply List.filter_ext. intros s. rewrite Hc. by destruct (channel s =? c).
    + etrans; [exact E4|]. cbn. set_solver.
    + exact E5.
Qed.

Lemma retire_take k p : ok k ->
  exists q' ds, retire_process p (queue k) = (q', map (fun s => into_wakeup s Retired) ds) /\
    ok_with (set_queue k q') (map (fun s => into_wakeup s Retired) ds) /\
    sleepers q' = List.filter (fun s => negb (pid s =? p)) (sleepers (queue k)) /\
    ds ≡ₚ List.filter (fun s => pid s =? p) (sleepers (queue k)) /\ same_minting (queue k) q'.
Proof.
  intros Hk. pose proof (ow_wf _ _ Hk) as Hw. unfold retire_process.
  set (cs := map channel (List.filter (fun s => pid s =? p) (sleepers (queue k)))).
  assert (Hc : forall s, In s (sleepers (queue k)) -> on_channels cs s = (pid s =? p)).
  { intros s Hs. pose proof (ow_chan _ _ Hk) as Hn. cbn [map] in Hn. rewrite app_nil_r in Hn.
    unfold on_channels, cs. destruct (Z.eqb_spec (pid s) p) as [Hp|Hp].
    - apply existsb_exists. exists (channel s). split; [|apply Z.eqb_refl]. apply in_map, filter_In. split; [done|]. by apply Z.eqb_eq.
    - apply not_true_iff_false. intros (c & Hin & He%Z.eqb_eq)%existsb_exists. subst c.
      apply in_map_iff in Hin as (x & Hx & [Hxs Hpx%Z.eqb_eq]%filter_In). apply Hp.
      enough (x = s) as -> by done. clear - Hn Hs Hxs Hx. induction (sleepers (queue k)) as [|y l IH]; [done|].
      cbn [map] in Hn. apply NoDup_cons in Hn as [Hni Hn]. destruct Hs as [->|Hs], Hxs as [->|Hxs]; auto.
      + exfalso. apply Hni, list_elem_of_In. rewrite <- Hx. by apply in_map.
      + exfalso. apply Hni, list_elem_of_In. rewrite Hx. by apply in_map. }
  destruct (retire_channels_spec cs (queue k) Hw) as (ds & E1 & E2 & E3 & E4 & E5).
  pose proof (so_wf _ _ _ (retire_channels_ok cs (queue k) Hw)) as Hw'.
  destruct (retire_channels cs (queue k)) as [q' out]. cbn [fst snd] in *. subst out.
  rewrite (List.filter_ext_in _ (fun s => pid s =? p)) in E2 by done.
  rewrite (List.filter_ext_in _ (fun s => negb (pid s =? p))) in E3 by (intros s Hs; by rewrite Hc).
  exists q', ds. split; [done|]. split; [|done]. by apply (taken_ok k q' (fun s => pid s =? p)).
Qed.

Lemma remove_take k i reason : ok k ->
  match bt_get i (sleepers (queue k)) with
  | Some s => exists q', remove_with_reason i reason (queue k) = (q', Some (into_wakeup s reason)) /\
      ok_with (set_queue k q') [into_wakeup s reason] /\ sleepers q' = bt_remove i (sleepers (queue k)) /\ same_minting (queue k) q'
  | None => remove_with_reason i reason (queue k) = (queue k, None)
  end.
Proof.
  intros Hk. pose proof (ow_wf _ _ Hk) as Hw. unfold remove_with_reason.
  destruct (bt_get i (sleepers (queue k))) as [s|] eqn:E; [|done]. eexists. split; [done|]. split; [|by split_and!].
  apply (taken_ok k _ (fun x => id x =? i) [s]); auto; [|done|apply get_filter; [apply Hw|done]].
  apply (so_wf _ _ _ (removal_ok i reason (queue k) s _ Hw E)).
Qed.

(** *** Loops that decide parks one by one *)

Section Loop.
Context (f : Z -> Parks -> Parks) (g : Sleeper unit -> option Resume -> list Completion).
(** [f] takes one sleeper off and adds the completions [g] says. *)
Definition decides : Prop := forall k s, ok k -> In s (sleepers (queue k)) ->
  ok (f (id s) k) /\ sleepers (queue (f (id s) k)) = bt_remove (id s) (sleepers (queue k)) /\
  same_minting (queue k) (queue (f (id s) k)) /\ resume (f (id s) k) = delete (id s) (resume k) /\
  completions (f (id s) k) = completions k ++ g s (resume k !! id s).

Lemma decide_each sel k : decides -> ok k -> NoDup (map id sel) -> (forall s, In s sel -> In s (sleepers (queue k))) ->
  let k' := for_each (map id sel) f k in
  ok k' /\ sleepers (queue k') = List.filter (fun s => negb (leaves (map id sel) s)) (sleepers (queue k)) /\
  same_minting (queue k) (queue k') /\ (forall i, ~ In i (map id sel) -> resume k' !! i = resume k !! i) /\
  completions k' = completions k ++ flat_map (fun s => g s (resume k !! id s)) sel.
Proof.
  intros Hf. revert k. induction sel as [|s sel IH]; intros k Hk Hn Hin; unfold for_each; cbn [map fold_left flat_map].
  - rewrite filter_true by done. rewrite app_nil_r. done.
  - destruct (Hf k s Hk (Hin s (or_introl eq_refl))) as (A1 & A2 & A3 & A4 & A5). cbn [map] in Hn. apply NoDup_cons in Hn as [Hni Hn].
    rewrite list_elem_of_In in Hni.
    destruct (IH (f (id s) k) A1 Hn) as (B1 & B2 & B3 & B4 & B5).
    { intros x Hx. rewrite A2. apply filter_In. split; [apply Hin; by right|]. apply negb_true_iff, Z.eqb_neq. intros He.
      apply Hni. rewrite <- He. by apply in_map. }
    fold (for_each (map id sel) f (f (id s) k)). split; [done|]. split; [|split; [|split]].
    + rewrite B2, A2. unfold bt_remove. rewrite filter_and. apply List.filter_ext. intros x. unfold leaves. cbn [existsb].
      rewrite (Z.eqb_sym (id x)). by destruct (id s =? id x), (existsb _ _).
    + destruct A3, B3. split; congruence.
    + intros i Hi. cbn in Hi. rewrite B4 by tauto. rewrite A4, lookup_delete_ne; [done|]. tauto.
    + rewrite B5, A5, <- app_assoc. do 2 f_equal. rewrite !flat_map_concat_map. f_equal. apply map_ext_in. intros x Hx.
      rewrite A4, lookup_delete_ne; [done|]. intros He. apply Hni. rewrite He. by apply in_map.
Qed.
End Loop.

Definition interruption (s : Sleeper unit) (r : option Resume) : Completion :=
  mkCompletion (channel s) (pid s) (tid s) (- errno_code EINTR)
    (match r with Some r => interrupted_flags r | None => 0 end) (match r with Some r => interrupted_remainder r | None => None end).

Lemma retire_decides : decides retire_one (fun _ _ => []).
Proof.
  intros k s Hk Hin. pose proof (remove_take k (id s) Retired Hk) as Hr. rewrite (bt_get_in _ s) in Hr by (try apply (ow_wf _ _ Hk); done).
  destruct Hr as (q & E & Ho & Es & Em). unfold retire_one. rewrite E.
  pose proof (leave_ok _ _ _ (forget (into_wakeup s Retired) (set_queue k q)) Ho eq_refl eq_refl) as Hl. rewrite app_nil_r. by split_and!.
Qed.

Lemma interrupt_decides : decides interrupt_one (fun s r => [interruption s r]).
Proof.
  intros k s Hk Hin. pose proof (remove_take k (id s) Interrupted Hk) as Hr. rewrite (bt_get_in _ s) in Hr by (try apply (ow_wf _ _ Hk); done).
  destruct Hr as (q & E & Ho & Es & Em). unfold interrupt_one. rewrite E.
  assert (Hl : forall v fl rm, ok (finish_with (into_wakeup s Interrupted) v fl rm (set_queue k q))) by (intros; by eapply leave_ok).
  split; [apply Hl|]. by split_and!.
Qed.

(** The sweep interrupts exactly the parks it is asked about that a signal
    targets, drops those whose task is gone, and leaves the others. *)
Lemma sweep_spec_of table k : ok k ->
  let v := verdict table (signals_dirty k) (sweep_pids k) in
  let k' := sweep_signals table k in
  ok k' /\ sleepers (queue k') = List.filter (fun s => match v s with Leave => true | _ => false end) (sleepers (queue k)) /\
  same_minting (queue k) (queue k') /\
  completions k' = completions k ++ map (fun s => interruption s (resume k !! id s)) (List.filter (fun s => is_interrupt (v s)) (sleepers (queue k))).
Proof.
  intros Hk v k'. unfold k', sweep_signals. pose proof (ow_wf _ _ Hk) as Hw. pose proof (wf_ids _ Hw) as Hs.
  assert (Hk0 : ok (set_sweep k false [])) by (destruct Hk; by split).
  destruct (negb (signals_dirty k) && _) eqn:Eg.
  - apply andb_true_iff in Eg as [Ed Ep]. apply negb_true_iff in Ed. destruct (sweep_pids k) as [|x l] eqn:Esp; [|done].
    assert (Hv : forall s, v s = Leave) by (intros s; unfold v, verdict; rewrite Ed, ?Esp; done).
    split; [done|]. rewrite filter_true by (intros s _; by rewrite Hv). rewrite filter_none by (intros s _; by rewrite Hv).
    cbn [map]. rewrite app_nil_r. done.
  - fold v. set (k0 := set_sweep k false []) in *. change (queue k0) with (queue k).
    set (ret := List.filter (fun s => is_retire (v s)) (sleepers (queue k))).
    set (int := List.filter (fun s => is_interrupt (v s)) (sleepers (queue k))).
    assert (Hnd : forall p, NoDup (map id (List.filter p (sleepers (queue k))))) by (intros p; by apply ids_NoDup, ids_sorted_filter).
    destruct (decide_each retire_one _ ret k0 retire_decides Hk0 (Hnd _) ltac:(intros s [? _]%filter_In; done)) as (A1 & A2 & A3 & A4 & A5).
    set (k1 := for_each (map id ret) retire_one k0) in *. change (queue k0) with (queue k) in *.
    rewrite (List.filter_ext_in _ (fun s => negb (is_retire (v s)))) in A2 by (intros s Hin; unfold ret; by rewrite leaves_filter).
    assert (Hdis : forall s, In s int -> ~ In (id s) (map id ret)).
    { intros s [Hin Hi]%filter_In (x & He & [Hx Hr]%filter_In)%in_map_iff. rewrite (sorted_id_inj _ x s Hs Hx Hin He) in Hr.
      destruct (v s); discriminate. }
    destruct (decide_each interrupt_one _ int k1 interrupt_decides A1 (Hnd _)) as (B1 & B2 & B3 & B4 & B5).
    { intros s [Hin Hi]%filter_In. rewrite A2. apply filter_In. split; [done|]. by destruct (v s). }
    split; [done|]. split; [|split].
    + rewrite B2, A2, filter_and. apply List.filter_ext_in. intros s Hin. unfold int. rewrite leaves_filter by done. by destruct (v s).
    + destruct A3, B3. split; congruence.
    + rewrite B5, A5. assert (Hnil : forall l : list (Sleeper unit), flat_map (fun _ => @nil Completion) l = []) by (by induction l).
      rewrite Hnil, app_nil_r. f_equal. clear - A4 Hdis. revert Hdis. generalize int. intros l Hdis. induction l as [|s l IH]; [done|].
      cbn [flat_map map app]. rewrite A4 by (apply Hdis; by left). f_equal. apply IH. intros x Hx. apply Hdis. by right.
Qed.

(** ** Steps *)

(** How a park leaves: its result is handed to the host, or its task is gone. *)
Inductive Outcome : Type := Delivered (c : Completion) | Dropped (t : Z * Z * Z).
Definition tri_o (o : Outcome) : Z * Z * Z := match o with Delivered c => tri_c c | Dropped t => t end.
Definition tris k : list (Z * Z * Z) := map tri_s (sleepers (queue k)) ++ map tri_c (completions k).

(** Operations that touch neither the queue nor the decided results. *)
Definition bookkeeping k k' : Prop := queue k' = queue k /\ resume k' = resume k /\ completions k' = completions k.

Definition retired_by table k : list (Sleeper unit) :=
  List.filter (fun s => is_retire (verdict table (signals_dirty k) (sweep_pids k) s)) (sleepers (queue k)).

Inductive park_step k : list (Z * Z * Z) -> list Outcome -> Parks -> Prop :=
  | pk_park p t wk srcs dl r k' res : park_task p t wk srcs dl r k = Some (k', res) ->
      park_step k (match res with Ok c => [(c, p, t)] | Err _ => [] end) [] k'
  | pk_futex_wake p a max b : park_step k [] [] (fst (futex_wake p a max b k))
  | pk_futex_requeue p a b max : park_step k [] [] (fst (futex_requeue p a b max k))
  | pk_expire now : park_step k [] [] (fst (expire_parks now k))
  | pk_needs_clock : park_step k [] [] (fst (needs_clock k))
  | pk_next_timeout now : park_step k [] [] (fst (next_timeout_ns now k))
  | pk_child i parent v : park_step k [] [] (fst (finish_child_waiter i parent v k))
  | pk_signal i p t v : park_step k [] [] (fst (finish_signal_waiter i p t v k))
  | pk_retry i o v fl : park_step k [] [] (fst (finish_retry_waiter_with_flags i o v fl k))
  | pk_take_children : park_step k [] [] (fst (take_dirty_child_waiters k))
  | pk_take_retries : park_step k [] [] (fst (take_dirty_retry_waiters k))
  | pk_take_released : park_step k [] [] (fst (take_released_retry_bindings k))
  | pk_note_source src : park_step k [] [] (note_source_ready src k)
  | pk_note_signal : park_step k [] [] (note_signal_generated k)
  | pk_note_children : park_step k [] [] (note_children_changed k)
  | pk_note_exit p : park_step k [] [] (note_child_exited p k)
  | pk_sweep table : park_step k [] (map (fun s => Dropped (tri_s s)) (retired_by table k)) (sweep_signals table k)
  | pk_cancel p t : park_step k [] [] (fst (cancel_parked p t k))
  | pk_retire_task p t :
      park_step k [] (map (fun s => Dropped (tri_s s)) (List.filter (of_task p t) (sleepers (queue k)))) (retire_task p t k)
  | pk_retire p :
      park_step k [] (map (fun s => Dropped (tri_s s)) (List.filter (fun s => pid s =? p) (sleepers (queue k))) ++
                      map (fun c => Dropped (tri_c c)) (List.filter (fun c => c_pid c =? p) (completions k))) (retire_parks p k)
  | pk_drain G (write : G -> Z -> Z -> list Z -> G * bool) out max now g k' g' out' n :
      drain write out max now g k = (k', g', out', n) ->
      park_step k [] (map Delivered (take (Z.to_nat n) (completions k))) k'
  | pk_take : park_step k [] (map Delivered (completions k)) (fst (take_completions k)).

Inductive park_run : Parks -> list (Z * Z * Z) -> list Outcome -> Parks -> Prop :=
  | pr_nil k : park_run k [] [] k
  | pr_cons k ins outs k1 ins' outs' k2 : park_step k ins outs k1 -> park_run k1 ins' outs' k2 ->
      park_run k (ins ++ ins') (outs ++ outs') k2.

(** What every step keeps. *)
Record kept k (ins : list (Z * Z * Z)) (outs : list Outcome) k' : Prop := {
  kp_ok : ok k';
  kp_tris : tris k' ++ map tri_o outs ≡ₚ tris k ++ ins;
  kp_gen : next_generation (queue k) <= next_generation (queue k');
  kp_fresh : Forall (fun t => next_generation (queue k) <= fst (fst t) < next_generation (queue k')) ins;
  kp_nodup : NoDup (map (fun t => fst (fst t)) ins) }.

Lemma kept_same k k' : ok k' -> next_generation (queue k') = next_generation (queue k) -> tris k' ≡ₚ tris k -> kept k [] [] k'.
Proof.
  intros Ho Hg Ht. split; auto; [by rewrite !app_nil_r | lia | constructor].
Qed.

Lemma bookkeeping_kept k k' : ok k -> bookkeeping k k' -> kept k [] [] k'.
Proof.
  intros [H1 H2 H3 H4 H5] (E1 & E2 & E3). apply kept_same; [split; by rewrite ?E1, ?E2|by rewrite E1|]. unfold tris. by rewrite E1, E3.
Qed.

Lemma split_tris (gone : Sleeper unit -> bool) (l : list (Sleeper unit)) ds : ds ≡ₚ List.filter gone l ->
  map tri_s (List.filter (fun s => negb (gone s)) l) ++ map tri_s ds ≡ₚ map tri_s l.
Proof. intros Hd. rewrite <- map_app. apply Permutation_map. rewrite Hd. apply filter_split. Qed.

(** Sleepers that are taken off the queue and answered. *)
Lemma answered_kept v fl rm k q' ds reason gone : ok_with (set_queue k q') (map (fun s => into_wakeup s reason) ds) ->
  sleepers q' = List.filter (fun s => negb (gone s)) (sleepers (queue k)) -> ds ≡ₚ List.filter gone (sleepers (queue k)) ->
  same_minting (queue k) q' ->
  kept k [] [] (for_each (map (fun s => into_wakeup s reason) ds) (answer v fl rm) (set_queue k q')).
Proof.
  intros Ho Es Hd Hm. destruct (answer_each v fl rm _ _ Ho) as (A1 & A2 & A3 & A4 & _). cbn zeta in *.
  apply kept_same; [done|destruct A3, Hm; cbn in *; congruence|]. unfold tris. rewrite A2, A4. cbn [set_queue queue completions].
  rewrite Es, map_app, !map_map. cbn [answered tri_c generation c_pid c_tid into_wakeup w_channel w_pid w_tid].
  rewrite <- (split_tris gone (sleepers (queue k)) ds Hd). unfold tri_s at 2 3. rewrite <- !app_assoc. apply Permutation_app_head, Permutation_app_comm.
Qed.

(** Sleepers that are taken off the queue and dropped. *)
Lemma forgotten_kept k q' ds reason gone : ok_with (set_queue k q') (map (fun s => into_wakeup s reason) ds) ->
  sleepers q' = List.filter (fun s => negb (gone s)) (sleepers (queue k)) -> ds ≡ₚ List.filter gone (sleepers (queue k)) ->
  same_minting (queue k) q' ->
  kept k [] (map (fun s => Dropped (tri_s s)) (List.filter gone (sleepers (queue k))))
    (for_each (map (fun s => into_wakeup s reason) ds) forget (set_queue k q')).
Proof.
  intros Ho Es Hd Hm. destruct (forget_each _ _ Ho) as (A1 & A2 & A3 & A4 & _). cbn zeta in *.
  split; [done| |destruct A3, Hm; cbn in *; lia|constructor|constructor]. unfold tris. rewrite A2, A4. cbn [set_queue queue completions].
  rewrite Es, map_map, app_nil_r. cbn [tri_o]. rewrite <- (split_tris gone (sleepers (queue k)) _ (Permutation_refl _)).
  rewrite <- !app_assoc. apply Permutation_app_head, Permutation_app_comm.
Qed.

(** Operations on the queue that keep the sleepers but for their sources. *)
Lemma queue_kept k q : ok k -> wf q -> map id (sleepers q) = map id (sleepers (queue k)) ->
  map tri_s (sleepers q) = map tri_s (sleepers (queue k)) -> live_channels q = live_channels (queue k) ->
  next_generation q = next_generation (queue k) -> kept k [] [] (set_queue k q).
Proof.
  intros [H1 H2 H3 H4 H5] Hw Ei Et El Eg.
  assert (Ec : map channel (sleepers q) = map channel (sleepers (queue k))).
  { apply (f_equal (map (fun t : Z * Z * Z => fst (fst t)))) in Et. rewrite !map_map in Et. exact Et. }
  apply kept_same; [|done|unfold tris; cbn; by rewrite Et].
  split; cbn [set_queue queue resume]; rewrite ?Ei, ?Ec, ?El; auto.
Qed.

Lemma next_deadline_kept k : ok k -> kept k [] [] (set_queue k (fst (next_deadline_ns (queue k)))).
Proof.
  intros Hk. pose proof (so_wf _ _ _ (next_deadline_ok (queue k) (ow_wf _ _ Hk))) as Hw. unfold next_deadline_ns in *.
  destruct (next_entry _ _) as [h d]. by apply queue_kept.
Qed.

Lemma needs_clock_kept k : ok k -> kept k [] [] (fst (needs_clock k)).
Proof.
  intros Hk. pose proof (next_deadline_kept k Hk) as H. unfold needs_clock, has_deadline.
  by destruct (next_deadline_ns (queue k)) as [q d].
Qed.

Lemma futex_requeue_kept p a b max k : ok k -> kept k [] [] (fst (futex_requeue p a b max k)).
Proof.
  intros Hk. unfold futex_requeue. destruct (a =? b); [by apply bookkeeping_kept|].
  pose proof (so_wf _ _ _ (retarget_ok (SrcFutex p a) (SrcFutex p b) max (queue k) (ow_wf _ _ Hk))) as Hw. unfold retarget in *.
  pose proof (retarget_loop_shape id (SrcFutex p a) (SrcFutex p b) max (sleepers (queue k)) (fun _ _ => eq_refl)) as Hi.
  pose proof (retarget_loop_shape tri_s (SrcFutex p a) (SrcFutex p b) max (sleepers (queue k)) (fun _ _ => eq_refl)) as Ht.
  destruct (retarget_loop _ _ _ _) as [l n]. cbn [fst] in *. by apply queue_kept.
Qed.

Definition woken_with (w : Wakeup unit) (r : option Resume) : Z := match r with Some r => woken_value r | None => 0 end.
Definition expired_with (w : Wakeup unit) (r : option Resume) : Z :=
  match r with Some r => deadline_value r | None => - errno_code ETIMEDOUT end.
Definition none_with (w : Wakeup unit) (r : option Resume) : option Remainder := None.

Lemma futex_wake_kept p a max b k : ok k -> kept k [] [] (fst (futex_wake p a max b k)).
Proof.
  intros Hk. destruct (wake_limited_take k (SrcFutex p a) max (futex_accepts k b) Hk) as (q & E & Ho & Es & Hd & Hm).
  unfold futex_wake. rewrite E. cbn [fst]. exact (answered_kept woken_with (fun _ _ => 0) none_with k q _ _ _ Ho Es Hd Hm).
Qed.

Lemma expire_fold ws k l : fst (fold_left (fun st w => expire_one w st) ws (k, l)) =
  for_each ws (answer expired_with (fun _ _ => 0) none_with) k.
Proof. revert k l. induction ws as [|w ws IH]; intros k l; [done|]. cbn [fold_left expire_one]. apply IH. Qed.

Lemma expire_kept now k : ok k -> kept k [] [] (fst (expire_parks now k)).
Proof.
  intros Hk. destruct (expire_take k now Hk) as (q & ds & E & Ho & Es & Hd & _ & Hm).
  unfold expire_parks. rewrite E, expire_fold. by eapply answered_kept.
Qed.

Lemma decide_one_spec i reason v fl k : ok k ->
  match bt_get i (sleepers (queue k)) with
  | Some s => kept k [] [] (fst (decide_one i reason v fl k)) /\ snd (decide_one i reason v fl k) = true /\
      sleepers (queue (fst (decide_one i reason v fl k))) = bt_remove i (sleepers (queue k)) /\
      completions (fst (decide_one i reason v fl k)) = completions k ++ [mkCompletion (channel s) (pid s) (tid s) v fl None]
  | None => decide_one i reason v fl k = (k, false)
  end.
Proof.
  intros Hk. pose proof (remove_take k i reason Hk) as Hr. pose proof (wf_ids _ (ow_wf _ _ Hk)) as Hs. unfold decide_one.
  destruct (bt_get i (sleepers (queue k))) as [s|] eqn:Eg; [|rewrite Hr; by destruct k].
  destruct Hr as (q & E & Ho & Es & Hm). rewrite E. cbn [fst snd].
  split; [|by split_and!]. refine (answered_kept (fun _ _ => v) (fun _ _ => fl) none_with k q [s] reason (fun x => id x =? i) Ho Es _ Hm).
  by apply get_filter.
Qed.

Lemma decide_one_kept i reason v fl k : ok k -> kept k [] [] (fst (decide_one i reason v fl k)).
Proof.
  intros Hk. pose proof (decide_one_spec i reason v fl k Hk) as Hd. destruct (bt_get _ _); [apply Hd|]. rewrite Hd. by apply bookkeeping_kept.
Qed.

Lemma cancel_kept p t k : ok k -> kept k [] [] (fst (cancel_parked p t k)).
Proof.
  intros Hk. destruct (cancel_take k p t Hk) as (q & E & Ho & Es & Hm). unfold cancel_parked. rewrite E. cbn [fst].
  exact (answered_kept (fun _ _ => - errno_code EINTR) (fun _ _ => FLAG_CANCELLED) none_with k q _ _ _ Ho Es (Permutation_refl _) Hm).
Qed.

Lemma retire_task_kept p t k : ok k ->
  kept k [] (map (fun s => Dropped (tri_s s)) (List.filter (of_task p t) (sleepers (queue k)))) (retire_task p t k).
Proof.
  intros Hk. destruct (cancel_take k p t Hk) as (q & E & Ho & Es & Hm). unfold retire_task. rewrite E. by eapply forgotten_kept.
Qed.

Lemma filter_split_any {A} (p : A -> bool) (l : list A) : List.filter (fun x => negb (p x)) l ++ List.filter p l ≡ₚ l.
Proof.
  induction l as [|x l IH]; [done|]. cbn [List.filter]. destruct (p x); cbn [negb app]; [rewrite <- Permutation_middle|]; by constructor.
Qed.

Lemma completions_kept k l outs : ok k -> map tri_c l ++ map tri_o outs ≡ₚ map tri_c (completions k) -> kept k [] outs (set_completions k l).
Proof.
  intros [H1 H2 H3 H4 H5] Hl. split; [by split| |cbn; lia|constructor|constructor].
  unfold tris. cbn [set_completions queue completions]. rewrite <- app_assoc, Hl, app_nil_r. done.
Qed.

Lemma kept_trans k ins outs k1 ins' outs' k2 : kept k ins outs k1 -> kept k1 ins' outs' k2 -> kept k (ins ++ ins') (outs ++ outs') k2.
Proof.
  intros [A1 A2 A3 A4 A5] [B1 B2 B3 B4 B5]. split; [done| |lia| |].
  - rewrite map_app. rewrite (app_assoc (tris k)), <- A2, <- (app_assoc (tris k1)), (Permutation_app_comm (map tri_o outs) ins'), (app_assoc (tris k1)), <- B2.
    rewrite <- !app_assoc. apply Permutation_app_head, Permutation_app_comm.
  - apply Forall_app. split; (eapply Forall_impl; [eassumption|]); cbn; intros; lia.
  - rewrite map_app. apply NoDup_app. split; [done|]. split; [|done]. intros x Hx Hy.
    apply list_elem_of_In, in_map_iff in Hx as (t & <- & Ht). apply list_elem_of_In, in_map_iff in Hy as (u & Hu & Hu').
    pose proof (proj1 (List.Forall_forall _ _) A4 t Ht). pose proof (proj1 (List.Forall_forall _ _) B4 u Hu'). cbn in *. lia.
Qed.

Lemma retire_kept p k : ok k ->
  kept k [] (map (fun s => Dropped (tri_s s)) (List.filter (fun s => pid s =? p) (sleepers (queue k))) ++
             map (fun c => Dropped (tri_c c)) (List.filter (fun c => c_pid c =? p) (completions k))) (retire_parks p k).
Proof.
  intros Hk. destruct (retire_take k p Hk) as (q & ds & E & Ho & Es & Hd & Hm). unfold retire_parks. rewrite E.
  pose proof (forgotten_kept k q ds Retired _ Ho Es Hd Hm) as H1.
  destruct (forget_each _ _ Ho) as (_ & _ & _ & Ec & _). set (k1 := for_each _ _ _) in *. cbn zeta in Ec.
  pose proof (completions_kept k1 (List.filter (fun c => negb (c_pid c =? p)) (completions k1))
    (map (fun c => Dropped (tri_c c)) (List.filter (fun c => c_pid c =? p) (completions k))) (kp_ok _ _ _ _ H1)) as H2.
  rewrite map_map in H2. cbn [tri_o] in H2. rewrite <- map_app in H2.
  assert (Hc : completions k1 = completions k) by exact Ec. rewrite Hc in H2.
  specialize (H2 (Permutation_map _ (filter_split_any _ _))).
  pose proof (kept_trans _ _ _ _ _ _ _ H1 H2) as [K1 K2 K3 K4 K5]. cbn [app] in K2, K4, K5. rewrite Hc.
  destruct K1 as [W1 W2 W3 W4 W5]. split; [by split|done..].
Qed.

Lemma verdict_split {B} (v : Sleeper unit -> Verdict) (f : Sleeper unit -> B) l :
  map f (List.filter (fun s => match v s with Leave => true | _ => false end) l) ++
  map f (List.filter (fun s => is_interrupt (v s)) l) ++ map f (List.filter (fun s => is_retire (v s)) l) ≡ₚ map f l.
Proof.
  induction l as [|s l IH]; [done|]. cbn [List.filter]. destruct (v s); cbn [is_interrupt is_retire map app].
  - by constructor.
  - rewrite <- Permutation_middle. by constructor.
  - rewrite app_assoc, <- Permutation_middle, <- app_assoc. by constructor.
Qed.

Lemma sweep_kept table k : ok k -> kept k [] (map (fun s => Dropped (tri_s s)) (retired_by table k)) (sweep_signals table k).
Proof.
  intros Hk. destruct (sweep_spec_of table k Hk) as (A1 & A2 & A3 & A4). split; [done| |destruct A3; lia|constructor|constructor].
  unfold tris, retired_by. rewrite A2, A4, map_app, !map_map, app_nil_r. cbn [interruption tri_o tri_c generation c_pid c_tid].
  set (v := verdict _ _ _) in *. rewrite <- (verdict_split v tri_s (sleepers (queue k))). unfold tri_s.
  rewrite <- !app_assoc. apply Permutation_app_head.
  rewrite (Permutation_app_comm (map tri_c (completions k))). by rewrite <- !app_assoc.
Qed.

Lemma in_snoc {A} (l : list A) x y : In y (l ++ [x]) <-> In y l \/ y = x.
Proof. rewrite in_app_iff. cbn. intuition congruence. Qed.

Lemma park_kept p t wk srcs dl r k k' res : ok k -> park_task p t wk srcs dl r k = Some (k', res) ->
  kept k (match res with Ok c => [(c, p, t)] | Err _ => [] end) [] k'.
Proof.
  intros Hk E. unfold park_task in E. pose proof (ow_wf _ _ Hk) as Hw. destruct (open_channel (queue k)) as [[q r1]|] eqn:Eo; [|done].
  assert (exists c, r1 = Ok c) as [c ->] by (unfold open_channel in Eo; destruct (checked_add _ _ _); simplify_eq; eauto).
  destruct (open_channel_ok _ _ _ Hw Eo) as (H1 & -> & Es & Hcl). set (c := next_generation (queue k)) in *.
  assert (Hq : next_generation q = c + 1 /\ next_waiter q = next_waiter (queue k) /\ live_channels q = {[c]} ∪ live_channels (queue k)).
  { unfold open_channel in Eo. destruct (checked_add_cases u64_max (next_generation (queue k)) 1) as [[Ea _]|[Ea _]];
      rewrite Ea in Eo; simplify_eq; done. }
  destruct Hq as (Hg & Hnw & Hl). set (rq := mkRequest p t c wk srcs dl None false) in *.
  pose proof (so_wf _ _ _ (park_ok rq q (so_wf _ _ _ H1))) as Hw2. destruct Hk as [K1 K2 K3 K4 K5]. cbn [map] in *. rewrite app_nil_r in *.
  assert (Hold : forall x, In x (map channel (sleepers (queue k))) -> x < c).
  { intros x (s & <- & Hs)%in_map_iff. apply (wf_minted _ Hw). apply (proj1 (List.Forall_forall _ _) (wf_live _ Hw)). done. }
  assert (Hids : forall x, In x (map id (sleepers (queue k))) -> x < next_waiter (queue k)).
  { intros x (s & <- & Hs)%in_map_iff. by apply (proj1 (List.Forall_forall _ _) (wf_range _ Hw)). }
  destruct (park rq q) as [q1 [i|e]] eqn:Ep; cbn [fst] in Hw2.
  - injection E as <- <-. unfold park in Ep. destruct (negb _); [done|]. destruct (i64_max <? _); [done|].
    rewrite bt_insert_last in Ep by (eapply Forall_impl; [exact (wf_range _ (so_wf _ _ _ H1))|]; cbn; lia).
    cbn [q_pid q_tid q_channel q_kind q_sources q_deadline q_target q_signal_safe rq] in Ep. simplify_eq.
    split; cbn [queue resume completions set_sweep set_resume set_queue sleepers next_generation live_channels].
    + split; cbn [queue resume set_sweep set_resume set_queue sleepers live_channels]; rewrite ?map_app; cbn [map id channel]; rewrite ?app_nil_r, ?Es, ?Hnw.
      * rewrite Es, Hnw in Hw2. exact Hw2.
      * intros j. rewrite in_snoc. destruct (decide (j = next_waiter (queue k))) as [->|Hne].
        { rewrite lookup_insert_eq. split; [by right | by eexists]. }
        rewrite lookup_insert_ne by done. rewrite K2. intuition.
      * apply NoDup_app. split; [done|]. split; [|apply NoDup_singleton]. intros x Hx%list_elem_of_In ->%list_elem_of_singleton.
        apply Hids in Hx. lia.
      * apply NoDup_app. split; [done|]. split; [|apply NoDup_singleton]. intros x Hx%list_elem_of_In ->%list_elem_of_singleton.
        apply Hold in Hx. lia.
      * intros x. rewrite Hl, elem_of_union, elem_of_singleton, in_snoc. intros [->|Hx]; [by right | left; auto].
    + unfold tris. cbn. rewrite map_app, Es, app_nil_r. cbn [map]. unfold tri_s at 2. cbn. rewrite <- !app_assoc.
      apply Permutation_app_head, Permutation_app_comm.
    + cbn. lia.
    + constructor; [|constructor]. cbn. lia.
    + apply NoDup_singleton.
  - injection E as <- <-. assert (q1 = q) as -> by (unfold park in Ep; repeat case_match; by simplify_eq).
    assert (Hlive : live_channels (release_channel c q) ⊆ live_channels (queue k)) by (cbn; rewrite Hl; set_solver).
    assert (Hwr : wf (release_channel c q)).
    { apply (so_wf _ _ _ (release_channel_ok q c Hw2 ltac:(apply List.Forall_forall; rewrite Es; intros s Hs He;
        pose proof (Hold _ (in_map channel _ _ Hs)); lia))). }
    split; [|unfold tris; cbn; by rewrite Es, !app_nil_r|cbn; lia|constructor|constructor].
    split; cbn [queue resume set_queue map]; rewrite ?app_nil_r; [done|..]; cbn [release_channel set_live sleepers live_channels]; rewrite ?Es; auto.
Qed.

Lemma park_step_kept k ins outs k' : ok k -> park_step k ins outs k' -> kept k ins outs k'.
Proof.
  intros Hk Hs. pose proof (fun k' => bookkeeping_kept k k' Hk) as Hb.
  destruct Hs as [p t wk srcs dl r k' res E|p a max b|p a b max|now| |now|i parent v|i p t v|i o v fl| | | |src| | |p|table|p t|p t|p
    |G write out max now g k' g' out' n E|].
  - by eapply park_kept.
  - by apply futex_wake_kept.
  - by apply futex_requeue_kept.
  - by apply expire_kept.
  - by apply needs_clock_kept.
  - pose proof (next_deadline_kept k Hk) as H. unfold next_timeout_ns. by destruct (next_deadline_ns (queue k)).
  - by apply decide_one_kept.
  - by apply decide_one_kept.
  - by apply decide_one_kept.
  - apply Hb. unfold take_dirty_child_waiters. by destruct (negb _).
  - apply Hb. unfold take_dirty_retry_waiters. by destruct (dirty_sources k).
  - by apply Hb.
  - apply Hb. unfold note_source_ready. by destruct (_ && _).
  - apply Hb. unfold note_signal_generated. by destruct (negb _).
  - by apply Hb.
  - by apply Hb.
  - by apply sweep_kept.
  - by apply cancel_kept.
  - by apply retire_task_kept.
  - by apply retire_kept.
  - unfold drain in E. destruct (drain_records _ _ _ _) as [g1 bytes]. simplify_eq. apply completions_kept; [done|].
    rewrite map_map. cbn [tri_o]. rewrite <- map_app, Permutation_app_comm, take_drop. done.
  - apply completions_kept; [done|]. rewrite map_map. done.
Qed.

Lemma park_run_kept k ins outs k' : ok k -> park_run k ins outs k' -> kept k ins outs k'.
Proof.
  intros Hk Hr. revert Hk. induction Hr as [k|k ins outs k1 ins' outs' k2 Hs _ IH]; intros Hk; [by apply bookkeeping_kept|].
  pose proof (park_step_kept _ _ _ _ Hk Hs) as H1. eapply kept_trans; [exact H1|]. apply IH, H1.
Qed.
End Invariant.

(** ** Properties *)

(** What the host reads from a record. *)
Definition decode (b : list Z) : Z * Z * Z * Z * Z :=
  (le_value (take 8 b), le_value (take 4 (drop 8 b)), le_value (take 4 (drop 12 b)),
   as_i32 (le_value (take 4 (drop 16 b))), le_value (take 4 (drop 20 b))).
(** The widths of the fields. *)
Definition in_width (c : Completion) : Prop :=
  0 <= generation c <= u64_max /\ 0 <= c_pid c <= u32_max /\ 0 <= c_tid c <= u32_max /\
  i32_min <= value c <= i32_max /\ 0 <= c_flags c <= u32_max.

Section Properties.
Implicit Types (k : Parks) (s : Sleeper unit).

(** C21. No decision is lost or made twice: along any sequence of operations, the
    parks made so far (generation, process, thread) are exactly those still
    asleep, those decided and waiting for the host, those handed to the host
    and those dropped because their task or image is gone, each once; no
    generation is reused. *)
Theorem every_park_is_decided_once ins outs k : park_run new_parks ins outs k ->
  ok k /\ ins ≡ₚ map tri_s (sleepers (queue k)) ++ map tri_c (completions k) ++ map tri_o outs /\
  NoDup (map (fun t => fst (fst t)) ins).
Proof.
  intros Hr. destruct (park_run_kept _ _ _ _ new_parks_ok Hr) as [H1 H2 _ _ H5]. split; [done|]. split; [|done].
  unfold tris in H2. cbn in H2. rewrite <- H2. by rewrite <- app_assoc.
Qed.

(** The sweep is exact: of the parks it looks at (all after a signal, those of
    the named processes otherwise) it answers with [EINTR] those whose task a
    pending signal targets, with the flags and the remainder of their kind, in
    parking order, drops those whose task is not live, and leaves the rest. *)
Theorem sweep_is_exact ins outs k table : park_run new_parks ins outs k ->
  let v := verdict table (signals_dirty k) (sweep_pids k) in
  let k' := sweep_signals table k in
  sleepers (queue k') = List.filter (fun s => match v s with Leave => true | _ => false end) (sleepers (queue k)) /\
  completions k' = completions k ++ map (fun s => interruption s (resume k !! id s)) (List.filter (fun s => is_interrupt (v s)) (sleepers (queue k))) /\
  signals_dirty k' = false /\ sweep_pids k' = [].
Proof.
  intros Hr v k'. pose proof (kp_ok _ _ _ _ (park_run_kept _ _ _ _ new_parks_ok Hr)) as Hk.
  destruct (sweep_spec_of table k Hk) as (A1 & A2 & _ & A4). split; [done|]. split; [done|].
  assert (Hf : forall (l : list Z) (f : Z -> Parks -> Parks) k0, (forall i k1, signals_dirty (f i k1) = signals_dirty k1 /\ sweep_pids (f i k1) = sweep_pids k1) ->
    signals_dirty (for_each l f k0) = signals_dirty k0 /\ sweep_pids (for_each l f k0) = sweep_pids k0).
  { intros l f k0 Hf. revert k0. induction l as [|i l IH]; intros k0; [done|].
    change (for_each (i :: l) f k0) with (for_each l f (f i k0)). destruct (IH (f i k0)) as [-> ->]. apply Hf. }
  unfold k', sweep_signals. destruct (_ && _); [done|].
  destruct (Hf (map id (List.filter (fun s => is_interrupt (v s)) (sleepers (queue k)))) interrupt_one
    (for_each (map id (List.filter (fun s => is_retire (v s)) (sleepers (queue k)))) retire_one (set_sweep k false []))) as [E1 E2].
  { intros i k1. unfold interrupt_one. by destruct (remove_with_reason _ _ _) as [q [w|]]. }
  destruct (Hf (map id (List.filter (fun s => is_retire (v s)) (sleepers (queue k)))) retire_one (set_sweep k false [])) as [E3 E4].
  { intros i k1. unfold retire_one. by destruct (remove_with_reason _ _ _) as [q [w|]]. }
  split; [etrans; [exact E1|exact E3] | etrans; [exact E2|exact E4]].
Qed.

(** [FUTEX_WAKE] answers with success the oldest waiters on the word whose
    bitset meets the waker's, at most [max] of them, and reports their number. *)
Theorem futex_wake_is_exact ins outs k p addr max bitset : park_run new_parks ins outs k ->
  let hit s := matches s (SrcFutex p addr) && futex_accepts k bitset s in
  let sel := take max (List.filter hit (sleepers (queue k))) in
  let res := futex_wake p addr max bitset k in
  snd res = length sel /\
  completions (fst res) = completions k ++ map (fun s => mkCompletion (channel s) (pid s) (tid s) 0 0 None) sel /\
  sleepers (queue (fst res)) = List.filter (fun s => negb (leaves (map id sel) s)) (sleepers (queue k)).
Proof.
  intros Hr hit sel res. pose proof (kp_ok _ _ _ _ (park_run_kept _ _ _ _ new_parks_ok Hr)) as Hk.
  destruct (wake_limited_take k (SrcFutex p addr) max (futex_accepts k bitset) Hk) as (q & E & Ho & Es & _ & _).
  unfold res, futex_wake. rewrite E. cbn [fst snd].
  destruct (answer_each woken_with (fun _ _ => 0) none_with _ _ Ho) as (_ & A2 & _ & A4 & _).
  split; [by rewrite length_map|]. split; [|etrans; [exact A2 | exact Es]]. etrans; [exact A4|]. f_equal. rewrite map_map. apply map_ext.
  intros s. unfold answered, woken_with, none_with, woken_value. cbn. f_equal. by destruct (resume k !! id s).
Qed.

(** A deadline that passes ends exactly the parks that are due, earliest
    first, each with the result of its kind, and credits the timed waits. *)
Theorem expiry_answers_each_kind ins outs k now : park_run new_parks ins outs k ->
  exists ds, ds ≡ₚ List.filter (due now) (sleepers (queue k)) /\ StronglySorted entry_le (map key ds) /\
  sleepers (queue (fst (expire_parks now k))) = List.filter (fun s => negb (due now s)) (sleepers (queue k)) /\
  completions (fst (expire_parks now k)) =
    completions k ++ map (fun s => mkCompletion (channel s) (pid s) (tid s)
      (match resume k !! id s with Some r => deadline_value r | None => - errno_code ETIMEDOUT end) 0 None) ds /\
  snd (expire_parks now k) = flat_map (fun s => credit k (into_wakeup s ByDeadline)) ds.
Proof.
  intros Hr. pose proof (kp_ok _ _ _ _ (park_run_kept _ _ _ _ new_parks_ok Hr)) as Hk.
  destruct (expire_take k now Hk) as (q & ds & E & Ho & Es & Hd & Hs & _). exists ds. split; [done|]. split; [done|].
  unfold expire_parks. rewrite E, expire_fold.
  destruct (answer_each expired_with (fun _ _ => 0) none_with _ _ Ho) as (_ & A2 & _ & A4 & _).
  split; [etrans; [exact A2 | exact Es]|]. split; [etrans; [exact A4|]; f_equal; by rewrite map_map|].
  change (flat_map (fun s => credit k (into_wakeup s ByDeadline)) ds) with ([] ++ flat_map (fun s => credit (set_queue k q) (into_wakeup s ByDeadline)) ds).
  clear A2 A4 E Es Hd Hs. generalize (@nil (Z * Z * Z)) as acc. revert Ho. generalize (set_queue k q) as k0. clear k q Hr Hk.
  induction ds as [|s ds IH]; intros k0 Ho acc; [cbn; by rewrite app_nil_r|]. cbn [map fold_left expire_one flat_map].
  cbn [map] in Ho. rewrite IH; [|by eapply leave_ok]. rewrite <- app_assoc. do 2 f_equal.
  rewrite !flat_map_concat_map. f_equal. apply map_ext_in. intros x Hx. unfold credit. cbn. rewrite lookup_delete_ne; [done|].
  pose proof (ow_ids _ _ Ho) as Hn. cbn [map] in Hn. apply NoDup_middle in Hn as (_ & _ & Hn). intros He. apply Hn.
  rewrite map_map. cbn. change (id s) with (w_id (into_wakeup s ByDeadline)) in He. cbn in He. rewrite He. by apply (in_map id).
Qed.

(** ** Signals and parks together *)

(** The calls the signal code made, applied to the parks. *)
Definition forward (p p' : Process) k : Parks := if (notes p <? notes p')%nat then note_signal_generated k else k.

(** Every parked task that a pending signal targets is due for a sweep. *)
Definition flagged (table : gmap Z Process) k : Prop := forall s p, In s (sleepers (queue k)) -> table !! pid s = Some p ->
  interrupts p (tid s) = true -> signals_dirty k = true \/ In (pid s) (sweep_pids k).

Lemma flagged_park table p t wk srcs dl r k k' res : ok k -> flagged table k -> park_task p t wk srcs dl r k = Some (k', res) -> flagged table k'.
Proof.
  intros Hk Hf E. unfold park_task in E. destruct (open_channel (queue k)) as [[q r1]|] eqn:Eo; [|done].
  assert (exists c, r1 = Ok c) as [c ->] by (unfold open_channel in Eo; destruct (checked_add _ _ _); simplify_eq; eauto).
  destruct (open_channel_ok _ _ _ (ow_wf _ _ Hk) Eo) as (H1 & _ & Es & _).
  unfold park in E. destruct (negb _); [|destruct (i64_max <? _)].
  - simplify_eq. intros s x Hs. cbn in *. rewrite Es in Hs. by apply Hf.
  - simplify_eq. intros s x Hs. cbn in *. rewrite Es in Hs. by apply Hf.
  - rewrite bt_insert_last in E by (eapply Forall_impl; [exact (wf_range _ (so_wf _ _ _ H1))|]; cbn; lia). simplify_eq.
    intros s x Hs Hx Hi. cbn in *. rewrite Es in Hs. apply in_snoc in Hs as [Hs| ->].
    + destruct (Hf s x Hs Hx Hi) as [?|Hin]; [by left|]. right. destruct (existsb _ _); [done|]. apply in_app_iff. by left.
    + right. cbn. destruct (existsb (fun y => y =? p) (sweep_pids k)) eqn:Ex.
      * apply existsb_exists in Ex as (y & Hy & ->%Z.eqb_eq). done.
      * apply in_app_iff. right. by left.
Qed.

Lemma flagged_sweep table k : ok k -> flagged table k -> forall s q, In s (sleepers (queue (sweep_signals table k))) ->
  table !! pid s = Some q -> interrupts q (tid s) = false.
Proof.
  intros Hk Hf s q Hs Hq. destruct (sweep_spec_of table k Hk) as (_ & E & _). rewrite E in Hs. apply filter_In in Hs as [Hs Hv].
  destruct (interrupts q (tid s)) eqn:Hi; [|done]. exfalso. specialize (Hf s q Hs Hq Hi).
  unfold verdict in Hv. rewrite Hq in Hv. unfold interrupts in Hi. apply andb_true_iff in Hi as [Hl Ht]. rewrite Hl, Ht in Hv.
  destruct (signals_dirty k); [done|]. destruct Hf as [Hf|Hin]; [done|]. cbn [negb andb] in Hv.
  assert (Hex : existsb (fun x => x =? pid s) (sweep_pids k) = true) by (apply existsb_exists; exists (pid s); split; [done|apply Z.eqb_refl]).
  by rewrite Hex in Hv.
Qed.


(** ** Records *)

Lemma take_drop_app {A} (a b c : list A) n m : length a = n -> length b = m -> take m (drop n (a ++ b ++ c)) = b.
Proof. intros <- <-. by rewrite drop_app_length, take_app_length. Qed.

Lemma decode_encode c : in_width c -> decode (encode c) = (generation c, c_pid c, c_tid c, value c, c_flags c).
Proof.
  intros (H1 & H2 & H3 & H4 & H5). unfold decode, encode.
  assert (T8 : forall x (l : list Z), take 8 (le_bytes 8 x ++ l) = le_bytes 8 x) by (intros; by apply take_app_length').
  rewrite T8. rewrite (take_drop_app (le_bytes 8 _) (le_bytes 4 _)) by done.
  rewrite (app_assoc (le_bytes 8 _) (le_bytes 4 (c_pid c))), (take_drop_app (le_bytes 8 _ ++ le_bytes 4 _) (le_bytes 4 _)) by done.
  rewrite (app_assoc _ (le_bytes 4 (c_tid c))), (take_drop_app _ (le_bytes 4 (value c)) _ 16) by done.
  rewrite (app_assoc _ (le_bytes 4 (value c))), <- (app_nil_r (le_bytes 4 (c_flags c))), (take_drop_app _ (le_bytes 4 (c_flags c)) _ 20) by done.
  rewrite !le_value_bytes. change (256 ^ Z.of_nat 8) with (u64_max + 1). change (256 ^ Z.of_nat 4) with (2 ^ 32).
  rewrite (Z.mod_small (generation c)), (Z.mod_small (c_pid c)), (Z.mod_small (c_tid c)), (Z.mod_small (c_flags c)) by (unfold u32_max in *; lia).
  do 2 f_equal. unfold as_i32. rewrite Z.mod_mod by lia. unfold i32_min, i32_max in *.
  destruct (Z.leb_spec 0 (value c)).
  - rewrite Z.mod_small by lia. by rewrite (proj2 (Z.leb_le (value c) 2147483647)) by lia.
  - replace (value c mod 2 ^ 32) with (value c + 2 ^ 32) by (apply (Z.mod_unique _ _ (-1)); lia).
    rewrite (proj2 (Z.leb_gt (value c + 2 ^ 32) 2147483647)) by lia. lia.
Qed.

(** A completion as the host gets it: a remainder it owes has been written, or
    the result is [EFAULT]. *)
Definition published (c c' : Completion) : Prop :=
  tri_c c' = tri_c c /\ c_flags c' = c_flags c /\
  (value c' = value c \/ remainder c <> None /\ value c' = - errno_code EFAULT).

Lemma length_encode c : length (encode c) = 24%nat.
Proof. done. Qed.

Lemma drain_records_spec {G} (write : G -> Z -> Z -> list Z -> G * bool) now g cs :
  exists cs', snd (drain_records write now g cs) = flat_map encode cs' /\ Forall2 published cs cs'.
Proof.
  revert g. induction cs as [|c cs IH]; intros g; cbn [drain_records]; [exists []; by split; [|constructor]|].
  destruct (settle_remainder write now g c) as [g1 c1] eqn:E1. destruct (IH g1) as (cs' & E2 & Hf).
  destruct (drain_records write now g1 cs) as [g2 bytes]. cbn [snd] in *. exists (c1 :: cs'). cbn [flat_map]. rewrite E2. split; [done|].
  constructor; [|done]. unfold settle_remainder in E1. destruct (remainder c) as [r|] eqn:Er.
  - destruct (write _ _ _ _) as [g3 okw]. simplify_eq. split; [done|]. split; [done|]. cbn. destruct okw; [by left | right; by split; [congruence|]].
  - simplify_eq. split; [done|]. split; [done|]. by left.
Qed.

Lemma nth_record cs (rest : list Z) i c : cs !! i = Some c -> take 24 (drop (24 * i) (flat_map encode cs ++ rest)) = encode c.
Proof.
  revert i. induction cs as [|x cs IH]; intros i Hi; [done|]. cbn [flat_map]. rewrite <- app_assoc. destruct i as [|i]; cbn in Hi.
  - simplify_eq. rewrite Nat.mul_0_r. cbn [drop]. by apply take_app_length'.
  - rewrite <- (IH i Hi). f_equal. replace (24 * S i)%nat with (length (encode x) + 24 * i)%nat by (rewrite length_encode; lia).
    by rewrite <- drop_drop, drop_app_length.
Qed.

Lemma length_flat_encode cs : length (flat_map encode cs) = (24 * length cs)%nat.
Proof. induction cs as [|c cs IH]; [done|]. cbn [flat_map]. rewrite length_app, IH, length_encode. cbn [length]. lia. Qed.

(** Collection: the host gets as many records as fit its buffer and its limit,
    oldest first; record [i] decodes to the [i]-th decision (its result
    replaced by [EFAULT] only when a remainder it owes could not be stored);
    the other decisions stay queued in order and the rest of the buffer is
    untouched. *)
Theorem drained_records_decode {G} (write : G -> Z -> Z -> list Z -> G * bool) out max now g k k' g' out' n :
  drain write out max now g k = (k', g', out', n) -> 0 <= max -> Forall in_width (completions k) ->
  n = Z.min (Z.min (lenZ out / RECORD_BYTES) max) (lenZ (completions k)) /\
  completions k' = drop (Z.to_nat n) (completions k) /\ lenZ out' = lenZ out /\
  drop (Z.to_nat (n * RECORD_BYTES)) out' = drop (Z.to_nat (n * RECORD_BYTES)) out /\
  forall i c, completions k !! i = Some c -> Z.of_nat i < n ->
    exists c', published c c' /\
      decode (take 24 (drop (24 * i) out')) = (generation c, c_pid c, c_tid c, value c', c_flags c).
Proof.
  intros E Hmax Hw. unfold drain in E. set (m := Z.min _ (lenZ (completions k))) in *.
  assert (Hm : 0 <= m /\ m <= lenZ (completions k) /\ m <= lenZ out / RECORD_BYTES).
  { unfold m, RECORD_BYTES. pose proof (Z.div_pos (Z.of_nat (length out)) 24 ltac:(lia) ltac:(lia)). lia. }
  assert (Hfit : m * RECORD_BYTES <= lenZ out).
  { unfold RECORD_BYTES in *. pose proof (Z.mul_div_le (lenZ out) 24 ltac:(lia)). lia. }
  destruct (drain_records_spec write now g (take (Z.to_nat m) (completions k))) as (cs' & E2 & Hf).
  destruct (drain_records write now g (take (Z.to_nat m) (completions k))) as [g1 bytes]. cbn [snd] in E2. injection E as <- _ <- <-. subst bytes.
  pose proof (Forall2_length _ _ _ Hf) as Hlen. rewrite length_take in Hlen. unfold RECORD_BYTES in *.
  split; [done|]. split; [done|]. split.
  { rewrite length_app, length_drop, length_flat_encode. lia. }
  split.
  { replace (Z.to_nat (m * 24)) with (length (flat_map encode cs')) at 1 by (rewrite length_flat_encode; lia). apply drop_app_length. }
  intros i c Hi Hlt. assert (Hi' : take (Z.to_nat m) (completions k) !! i = Some c) by (rewrite lookup_take_lt by lia; done).
  destruct (Forall2_lookup_l _ _ _ _ _ Hf Hi') as (c' & Hc' & Hpub). exists c'. split; [done|]. rewrite (nth_record _ _ i c' Hc').
  pose proof (proj1 (Forall_lookup _ _) Hw i c Hi) as (W1 & W2 & W3 & W4 & W5). destruct Hpub as (Ht & Hfl & Hv).
  unfold tri_c in Ht. injection Ht as T1 T2 T3. rewrite decode_encode; [by rewrite T1, T2, T3, Hfl|].
  unfold in_width. rewrite T1, T2, T3, Hfl. split_and!; try tauto; destruct Hv as [-> |[_ ->]]; try tauto; cbn; unfold i32_min, i32_max; lia.
Qed.

(** An interrupted relative sleep reports the unslept time: the record's
    seconds and nanoseconds make up the time left to the deadline, zero once
    it has passed. *)
Theorem remainder_is_time_left r now : i64_min <= rem_deadline r <= i64_max -> i64_min <= now <= i64_max ->
  let b := timespec_at r now in
  length b = 16%nat /\ le_value (take 8 b) * 1000000000 + le_value (drop 8 b) = Z.min i64_max (Z.max 0 (rem_deadline r - now)) /\
  0 <= le_value (drop 8 b) < 1000000000.
Proof.
  intros Hd Hn b. unfold b, timespec_at, i64_saturating_sub. set (left := Z.max _ 0).
  assert (Hl : left = Z.min i64_max (Z.max 0 (rem_deadline r - now))) by (unfold left, i64_min, i64_max in *; lia).
  clearbody left. assert (Hr : 0 <= left <= i64_max) by (unfold i64_min, i64_max in *; lia).
  rewrite take_app_length', drop_app_length' by done. rewrite !le_value_bytes. change (256 ^ Z.of_nat 8) with (u64_max + 1).
  pose proof (Z.div_mod left 1000000000 ltac:(lia)). pose proof (Z.mod_pos_bound left 1000000000 ltac:(lia)).
  pose proof (Z.div_pos left 1000000000 ltac:(lia) ltac:(lia)).
  rewrite (Z.mod_small (left / 1000000000)), (Z.mod_small (left mod 1000000000) (u64_max + 1)) by (unfold u64_max, i64_max in *; lia).
  split; [done|]. split; lia.
Qed.
End Properties.

(** ** Witnesses *)

(** Two futex waits of process 5 on word 64, and a sleep of thread 9. *)
Definition pk_then (k : Parks) (m : op Parks Z) : Parks := match m k with Some (k', _) => k' | None => k end.
Definition pk1 : Parks := pk_then new_parks (park_task 5 5 KFutex [SrcFutex 5 64] (Some 100) (RFutex 1 (Some 100))).
Definition pk2 : Parks := pk_then pk1 (park_task 5 7 KFutex [SrcFutex 5 64] None (RFutex 3 None)).
Definition pk3 : Parks := pk_then pk2 (park_task 5 9 KSleep [] (Some 50) (RSleep (Some 4096) 50)).

Lemma pk3_run : park_run new_parks [(1, 5, 5); (2, 5, 7); (3, 5, 9)] [] pk3.
Proof.
  eapply (pr_cons _ [(1, 5, 5)] [] pk1 [(2, 5, 7); (3, 5, 9)] []).
  { refine (pk_park _ 5 5 KFutex [SrcFutex 5 64] (Some 100) (RFutex 1 (Some 100)) pk1 (Ok 1) _). vm_compute. reflexivity. }
  eapply (pr_cons _ [(2, 5, 7)] [] pk2 [(3, 5, 9)] []).
  { refine (pk_park _ 5 7 KFutex [SrcFutex 5 64] None (RFutex 3 None) pk2 (Ok 2) _). vm_compute. reflexivity. }
  eapply (pr_cons _ [(3, 5, 9)] [] pk3 [] []); [|apply pr_nil].
  refine (pk_park _ 5 9 KSleep [] (Some 50) (RSleep (Some 4096) 50) pk3 (Ok 3) _). vm_compute. reflexivity.
Qed.

Lemma every_park_is_decided_once_witness : map tri_s (sleepers (queue pk3)) = [(1, 5, 5); (2, 5, 7); (3, 5, 9)] /\
  NoDup (map (fun t : Z * Z * Z => fst (fst t)) [(1, 5, 5); (2, 5, 7); (3, 5, 9)]).
Proof. split; [vm_compute; reflexivity|]. exact (proj2 (proj2 (every_park_is_decided_once _ _ _ pk3_run))). Defined.

(** Thread 9 of process 5 has SIGUSR1; the other two threads block it. *)
Definition pt : Process :=
  let p := add_allocated_thread (add_allocated_thread (initial 5 1000) 7) 9 in
  let p := fst (set_blocked_for (fst (set_blocked_for p 5 512)) 7 512) in
  fst (raise_signal_with_metadata p 10 0 0 0 0).
Lemma sweep_is_exact_witness :
  map tri_c (completions (sweep_signals {[5 := pt]} pk3)) = [(3, 5, 9)] /\ sweep_pids (sweep_signals {[5 := pt]} pk3) = [].
Proof. split; [vm_compute; reflexivity|]. exact (proj2 (proj2 (proj2 (sweep_is_exact _ _ _ {[5 := pt]} pk3_run)))). Defined.

Lemma futex_wake_is_exact_witness : snd (futex_wake 5 64 9 2 pk3) = 1%nat /\
  completions (fst (futex_wake 5 64 9 2 pk3)) = [mkCompletion 2 5 7 0 0 None].
Proof.
  destruct (futex_wake_is_exact _ _ _ 5 64 9 2 pk3_run) as (H1 & H2 & _). split; [exact H1 | exact H2].
Defined.

Lemma expiry_answers_each_kind_witness : map value (completions (fst (expire_parks 100 pk3))) = [0; -110] /\
  exists ds, ds ≡ₚ List.filter (due 100) (sleepers (queue pk3)) /\
    snd (expire_parks 100 pk3) = flat_map (fun s => credit pk3 (into_wakeup s ByDeadline)) ds.
Proof.
  split; [vm_compute; reflexivity|]. destruct (expiry_answers_each_kind _ _ _ 100 pk3_run) as (ds & H1 & _ & _ & _ & H5). by exists ds.
Defined.

Definition pt0 : Process := initial 5 1000.
Definition pt1 : Process := fst (raise_signal_with_metadata pt0 15 0 0 0 0).

(** The exception. SIGCONT is pending for process 5 with its default
    disposition, which ignores it; the main thread blocks it, thread 9 does
    not and sleeps in a park that was swept once. Installing a handler makes
    the signal target the park and notes nothing, so the next sweep leaves the
    park asleep. *)
Definition continued : Process :=
  fst (raise_signal_with_metadata (fst (set_blocked_for (add_allocated_thread (initial 5 1000) 9) 5 (sig_bit SIGCONT))) SIGCONT 0 0 0 0).
Definition handled : Process := fst (sys_sigaction continued SIGCONT 4096 0 0).
Definition parked_9 : Parks :=
  match park_task 5 9 KFutex [SrcFutex 5 64] None (RFutex 1 None) new_parks with
  | Some (k, _) => sweep_signals {[5 := continued]} k
  | None => new_parks
  end.

Example handler_strands_a_park :
  interrupts continued 9 = false /\ interrupts handled 9 = true /\ notes handled = notes continued
  /\ map tri_s (sleepers (queue (sweep_signals {[5 := handled]} (forward continued handled parked_9)))) = [(1, 5, 9)].
Proof. split_and!; vm_compute; reflexivity. Qed.

Definition pk5 : Parks := fst (expire_parks 100 pk3).
Lemma drained_records_decode_witness :
  exists k' g' out', drain (fun (g : unit) _ _ _ => (g, true)) (replicate 60 255) 8 0 tt pk5 = (k', g', out', 2) /\
    drop 48 out' = replicate 12 255.
Proof.
  destruct (drain (fun (g : unit) _ _ _ => (g, true)) (replicate 60 255) 8 0 tt pk5) as [[[k' g'] out'] n] eqn:E.
  assert (n = 2) as -> by (vm_compute in E; congruence). exists k', g', out'. split; [reflexivity|].
  refine (proj1 (proj2 (proj2 (proj2 (drained_records_decode _ _ _ _ _ _ _ _ _ _ E _ _))))); [lia|].
  assert (Hc : completions pk5 = [mkCompletion 3 5 9 0 0 None; mkCompletion 1 5 5 (-110) 0 None]) by (vm_compute; reflexivity).
  rewrite Hc. repeat constructor; vm_compute; discriminate.
Defined.

Lemma remainder_is_time_left_witness :
  le_value (take 8 (timespec_at (mkRem 4096 5000000007) 2000000000)) * 1000000000 +
  le_value (drop 8 (timespec_at (mkRem 4096 5000000007) 2000000000)) = 3000000007.
Proof.
  exact (proj1 (proj2 (remainder_is_time_left (mkRem 4096 5000000007) 2000000000 ltac:(vm_compute; split; discriminate) ltac:(vm_compute; split; discriminate)))).
Defined.
