(* ===== verification/BlockedRetry.v ===== *)
(** * Stable targets of blocked calls (crates/runtime-core/src/blocked_retry.rs,
    crates/runtime-core/src/syscalls.rs, crates/runtime-core/src/wait_retry.rs)

    A call that would block is run again later, by which time its descriptor
    number, message queue descriptor or System V id may be closed and reused.
    Before it sleeps the kernel pins the object it selected and files the pin
    under a token; the later attempt activates the token and resolves the
    number to the pinned object.

    The descriptors in transit of a blocked sendmsg have the type [F]; the
    tables of the components behind them, the host and the locks are the
    state [E] with the operations the section lists. *)

From S2P Require Import Prelude Mqueue Ipc Lock WaitQueue ProcSignal WaitPark Fd OfdRefs Ofd Descriptors IoBuffer.

#[global] Instance BlockingRetryOperation_eq_dec : EqDecision BlockingRetryOperation.
Proof. solve_decision. Defined.

Definition SYS_FLOCK : Z := 121.
Definition SYS_PPOLL : Z := 251.
Definition SYS_PSELECT6 : Z := 252.
Definition SYS_COPY_FILE_RANGE : Z := 290.
Definition SYS_SPLICE : Z := 291.
Definition SYS_SENDFILE : Z := 294.
Definition SYS_PREADV : Z := 295.
Definition SYS_PWRITEV : Z := 296.
Definition SYS_PREADV2 : Z := 297.
Definition SYS_PWRITEV2 : Z := 298.
Definition SYS_MQ_TIMEDSEND : Z := 333.
Definition SYS_MQ_TIMEDRECEIVE : Z := 334.
Definition SYS_MSGRCV : Z := 338.
Definition SYS_MSGSND : Z := 339.
Definition SYS_SEMOP : Z := 342.
Definition SYS_ACCEPT4 : Z := 384.

(** [syscall == a || syscall == b ..]. *)
Definition one_of (syscall : Z) (l : list Z) : bool := existsb (Z.eqb syscall) l.

Definition from_syscall (syscall : Z) : result BlockingRetryOperation :=
  if one_of syscall [3; 82] then Ok OpRead
  else if one_of syscall [4; 81] then Ok OpWrite
  else if syscall =? 10 then Ok OpFcntl
  else if syscall =? 53 then Ok OpAccept
  else if syscall =? 54 then Ok OpConnect
  else if syscall =? 55 then Ok OpSend
  else if syscall =? 56 then Ok OpRecv
  else if syscall =? 62 then Ok OpSendto
  else if syscall =? 63 then Ok OpRecvfrom
  else if one_of syscall [64; SYS_PREADV; SYS_PREADV2] then Ok OpPread
  else if one_of syscall [65; SYS_PWRITEV; SYS_PWRITEV2] then Ok OpPwrite
  else if syscall =? 137 then Ok OpSendmsg
  else if syscall =? 138 then Ok OpRecvmsg
  else if syscall =? SYS_FLOCK then Ok OpFlock
  else if syscall =? SYS_ACCEPT4 then Ok OpAccept
  else if syscall =? SYS_SENDFILE then Ok OpSendfile
  else if syscall =? SYS_COPY_FILE_RANGE then Ok OpCopyFileRange
  else if syscall =? SYS_SPLICE then Ok OpSplice
  else if syscall =? SYS_MQ_TIMEDSEND then Ok OpMqSend
  else if syscall =? SYS_MQ_TIMEDRECEIVE then Ok OpMqReceive
  else if syscall =? SYS_MSGSND then Ok OpMsgSend
  else if syscall =? SYS_MSGRCV then Ok OpMsgReceive
  else if syscall =? SYS_SEMOP then Ok OpSemop
  else Err EINVAL.

Definition is_single_ofd (o : BlockingRetryOperation) : bool :=
  match o with
  | OpRead | OpWrite | OpFcntl | OpPread | OpPwrite | OpAccept | OpConnect | OpSend | OpRecv | OpSendto | OpRecvfrom
  | OpSendmsg | OpRecvmsg | OpFlock => true
  | _ => false
  end.

Definition is_pair_ofd (o : BlockingRetryOperation) : bool :=
  match o with OpSendfile | OpCopyFileRange | OpSplice => true | _ => false end.

(** Open, openat, poll, select and their extended forms. *)
Definition is_explicit_host_only_snapshot_syscall (syscall : Z) : bool :=
  one_of syscall [1; 69; 60; 103; SYS_PPOLL; SYS_PSELECT6].

Definition result_needs_target (syscall errno : Z) : bool :=
  (errno =? errno_code EAGAIN)
  || ((syscall =? 54) && ((errno =? errno_code EINPROGRESS) || (errno =? errno_code EALREADY))).

(** ** Targets *)

Record StableOfdTarget : Type := mkStable { original_fd : Z; ofd_idx : nat; stable_id : Z }.
Record PendingSysvMessage : Type := mkPendingMessage { pending_mtype : Z; pending_data : IoBuffer Z }.
Record NativeIovec : Type := mkIovec { iov_base : Z; iov_len : Z }.
Record PendingVectorIo : Type := mkVector { vector_entries : IoBuffer NativeIovec; outgoing : IoBuffer Z; total : Z }.

Inductive BlockingRetryTarget (F : Type) : Type :=
  | TOfd (t : StableOfdTarget)
  | TOfdPair (input output : StableOfdTarget)
  | TSendmsg (carrier : StableOfdTarget) (ancillary : list F)
  | TMqueue (pinned : Mqueue.PinnedMqueueDescriptor)
  | TSysvMessage (queue : Ipc.Pin) (pending_send : option PendingSysvMessage)
  | TSysvSemaphore (pinned : Ipc.Pin)
  | TVector (carrier : StableOfdTarget) (pending : option PendingVectorIo).
Arguments TOfd {F}. Arguments TOfdPair {F}. Arguments TSendmsg {F}. Arguments TMqueue {F}. Arguments TSysvMessage {F}.
Arguments TSysvSemaphore {F}. Arguments TVector {F}.

Definition supports {F} (t : BlockingRetryTarget F) (o : BlockingRetryOperation) : bool :=
  match t with
  | TOfd _ => is_single_ofd o && negb (bool_decide (o = OpSendmsg))
  | TOfdPair _ _ => is_pair_ofd o
  | TSendmsg _ _ => bool_decide (o = OpSendmsg)
  | TMqueue _ => match o with OpMqSend | OpMqReceive => true | _ => false end
  | TSysvMessage _ _ => match o with OpMsgSend | OpMsgReceive => true | _ => false end
  | TSysvSemaphore _ => bool_decide (o = OpSemop)
  | TVector _ _ => match o with OpRead | OpWrite | OpPread | OpPwrite => true | _ => false end
  end.

(** ** The registry of a process *)

Record BlockingRetryBinding (F : Type) : Type := mkBinding {
  b_token : Z; b_tid : Z; b_operation : BlockingRetryOperation; b_target : BlockingRetryTarget F }.
Arguments mkBinding {F}. Arguments b_token {F}. Arguments b_tid {F}. Arguments b_operation {F}. Arguments b_target {F}.

Record BlockingRetryState (F : Type) : Type := mkRetries {
  next_token : Z; bindings : IoBuffer (BlockingRetryBinding F);
  active : option (Z * Z * BlockingRetryOperation); dispatch_tid : option Z; bound_tid : option Z }.
Arguments mkRetries {F}. Arguments next_token {F}. Arguments bindings {F}. Arguments active {F}. Arguments dispatch_tid {F}.
Arguments bound_tid {F}.

Section Registry.
Context {F : Type}.
Variable size_of_binding : Z.
Implicit Types (s : BlockingRetryState F) (b : BlockingRetryBinding F).

Definition no_retries : BlockingRetryState F := mkRetries 1 IoBuffer.new None None None.

Definition with_bindings s (l : IoBuffer (BlockingRetryBinding F)) : BlockingRetryState F :=
  mkRetries (next_token s) l (active s) (dispatch_tid s) (bound_tid s).
Definition with_active s (a : option (Z * Z * BlockingRetryOperation)) : BlockingRetryState F :=
  mkRetries (next_token s) (bindings s) a (dispatch_tid s) (bound_tid s).
Definition with_dispatch s (d : option Z) : BlockingRetryState F :=
  mkRetries (next_token s) (bindings s) (active s) d (bound_tid s).

Definition all_bindings s : list (BlockingRetryBinding F) := values (bindings s).

Definition bind_task (tid : Z) s : BlockingRetryState F :=
  mkRetries (next_token s) (bindings s) (active s) (dispatch_tid s) (Some tid).
Definition clear_bound_task (tid : Z) s : BlockingRetryState F :=
  if bool_decide (bound_tid s = Some tid)
  then mkRetries (next_token s) (bindings s) (active s) (dispatch_tid s) None else s.

(** Any refusal of the buffer is ENOMEM. *)
Definition prepare_insert (mem : Memory) : op (BlockingRetryState F) Z := fun s =>
  if i64_max <? next_token s then Some (s, Err EOVERFLOW)
  else
    match try_reserve size_of_binding mem 1 (bindings s) with
    | None => None
    | Some (l, Err _) => Some (with_bindings s l, Err ENOMEM)
    | Some (l, Ok _) => Some (mkRetries (next_token s + 1) l (active s) (dispatch_tid s) (bound_tid s), Ok (next_token s))
    end.

(** The error carries the target back to the caller. *)
Definition insert_prepared (token tid : Z) (o : BlockingRetryOperation) (t : BlockingRetryTarget F) : op (BlockingRetryState F) unit := fun s =>
  if negb (supports t o) then Some (s, Err EINVAL)
  else if (token <=? 0) || existsb (fun b => (b_token b =? token) || (b_tid b =? tid)) (all_bindings s) then Some (s, Err EBUSY)
  else
    match push (mkBinding token tid o t) (bindings s) with
    | None => None
    | Some (l, _) => Some (with_bindings s l, Ok tt)
    end.

Definition token_for (tid : Z) (o : BlockingRetryOperation) s : result Z :=
  ok_or (option_map b_token (List.find (fun b => (b_tid b =? tid) && bool_decide (b_operation b = o)) (all_bindings s))) ENOENT.

Definition token_for_syscall (tid syscall : Z) s : result Z :=
  match from_syscall syscall with
  | Ok o => token_for tid o s
  | Err EINVAL => if is_explicit_host_only_snapshot_syscall syscall then Ok 0 else Err EINVAL
  | Err e => Err e
  end.

Definition has_token (token : Z) b : bool := b_token b =? token.
Definition has_tid (tid : Z) b : bool := b_tid b =? tid.

(** [binding_for_token_mut] and the change of the binding. *)
Definition binding_for_token (token : Z) s : option (BlockingRetryBinding F) := List.find (has_token token) (all_bindings s).
Definition update_binding (token : Z) (t : BlockingRetryTarget F) s : BlockingRetryState F :=
  match position (has_token token) (all_bindings s) with
  | Some i =>
      match all_bindings s !! i with
      | Some b => with_bindings s (mkIoBuffer (<[i := mkBinding (b_token b) (b_tid b) (b_operation b) t]> (all_bindings s)) (capacity (bindings s)))
      | None => s
      end
  | None => s
  end.

(** The first message stays. *)
Definition retain_sysv_message (token : Z) (m : PendingSysvMessage) s : BlockingRetryState F * result unit :=
  match binding_for_token token s with
  | None => (s, Err ENOENT)
  | Some b =>
      if negb (bool_decide (b_operation b = OpMsgSend)) then (s, Err EINVAL)
      else
        match b_target b with
        | TSysvMessage q None => (update_binding token (TSysvMessage q (Some m)) s, Ok tt)
        | TSysvMessage _ (Some _) => (s, Ok tt)
        | _ => (s, Err EINVAL)
        end
  end.

Definition has_binding_for_tid (tid : Z) s : bool := existsb (has_tid tid) (all_bindings s).

Definition activate (tid token : Z) (o : BlockingRetryOperation) s : BlockingRetryState F * result unit :=
  match active s with
  | Some _ => (s, Err EBUSY)
  | None =>
      match binding_for_token token s with
      | None => (s, Err ENOENT)
      | Some b =>
          if negb (b_tid b =? tid) || negb (bool_decide (b_operation b = o)) then (s, Err EINVAL)
          else (with_active s (Some (tid, token, o)), Ok tt)
      end
  end.

Definition clear_active s : BlockingRetryState F := with_active s None.

Definition activate_direct (tid token : Z) (o : BlockingRetryOperation) s : BlockingRetryState F * result bool :=
  if token =? 0 then
    (s, match active s with
        | Some (active_tid, _, active_operation) =>
            if negb (active_tid =? tid) then Err EBUSY
            else if bool_decide (active_operation = o) then Ok false else Err EINVAL
        | None => if has_binding_for_tid tid s then Err EBUSY else Ok false
        end)
  else if token <? 0 then (s, Err EINVAL)
  else
    match activate tid token o s with
    | (s', Ok _) => (s', Ok true)
    | (s', Err e) => (s', Err e)
    end.

Definition active_tid s : option Z := option_map (fun a => fst (fst a)) (active s).

Definition begin_dispatch (tid : Z) s : BlockingRetryState F * result unit :=
  match dispatch_tid s with
  | Some _ => (s, Err EBUSY)
  | None => (with_dispatch s (Some tid), Ok tt)
  end.
Definition enter_dispatch (tid : Z) s : BlockingRetryState F * result bool :=
  match dispatch_tid s with
  | None => (with_dispatch s (Some tid), Ok true)
  | Some d => (s, if d =? tid then Ok false else Err EBUSY)
  end.
Definition clear_dispatch s : BlockingRetryState F := with_dispatch s None.

(** [active_binding], and [active_binding_mut] up to the borrow. *)
Definition active_binding (tid : Z) (o : BlockingRetryOperation) s : result (option (BlockingRetryBinding F)) :=
  match active s with
  | None => Ok None
  | Some (a_tid, token, a_operation) =>
      if negb (a_tid =? tid) || negb (bool_decide (a_operation = o)) then Err EINVAL
      else match binding_for_token token s with Some b => Ok (Some b) | None => Err ENOENT end
  end.
Definition active_binding_current s : result (option (BlockingRetryBinding F)) :=
  match active s with
  | None => Ok None
  | Some (_, token, _) => match binding_for_token token s with Some b => Ok (Some b) | None => Err ENOENT end
  end.

Definition active_mqueue (tid : Z) (o : BlockingRetryOperation) s : result (option Mqueue.PinnedMqueueDescriptor) :=
  let? found := active_binding tid o s in
  match found with
  | None => Ok None
  | Some b => match b_target b with TMqueue p => Ok (Some p) | _ => Err EINVAL end
  end.
Definition active_sysv_message (tid : Z) (o : BlockingRetryOperation) s : result (option (Ipc.Pin * option PendingSysvMessage)) :=
  let? found := active_binding tid o s in
  match found with
  | None => Ok None
  | Some b => match b_target b with TSysvMessage q m => Ok (Some (q, m)) | _ => Err EINVAL end
  end.
Definition active_sysv_semaphore (tid : Z) s : result (option Ipc.Pin) :=
  let? found := active_binding tid OpSemop s in
  match found with
  | None => Ok None
  | Some b => match b_target b with TSysvSemaphore p => Ok (Some p) | _ => Err EINVAL end
  end.

(** [swap_remove] of the binding at a position. *)
Definition remove_binding (i : nat) s : BlockingRetryState F :=
  with_bindings s (mkIoBuffer (swap_remove i (all_bindings s)) (capacity (bindings s))).

Definition take_exact (tid token : Z) s : BlockingRetryState F * result (BlockingRetryBinding F) :=
  if match active s with Some (a_tid, a_token, _) => (a_tid =? tid) && (a_token =? token) | None => false end then (s, Err EBUSY)
  else
    match position (fun b => (b_tid b =? tid) && (b_token b =? token)) (all_bindings s) with
    | None => (s, Err ENOENT)
    | Some i => match all_bindings s !! i with Some b => (remove_binding i s, Ok b) | None => (s, Err ENOENT) end
    end.

Definition take_for_tid (tid : Z) s : BlockingRetryState F * option (BlockingRetryBinding F) :=
  let forget (o : option Z) := if bool_decide (o = Some tid) then None else o in
  let a := match active s with Some (a_tid, t, o) => if a_tid =? tid then None else Some (a_tid, t, o) | None => None end in
  let s := mkRetries (next_token s) (bindings s) a (forget (dispatch_tid s)) (forget (bound_tid s)) in
  match position (has_tid tid) (all_bindings s) with
  | None => (s, None)
  | Some i => (remove_binding i s, all_bindings s !! i)
  end.

Definition take_all s : BlockingRetryState F * list (BlockingRetryBinding F) :=
  (mkRetries (next_token s) IoBuffer.new None None None, all_bindings s).
End Registry.

(** ** Pinning and releasing *)

(** [a.and(b)] of two results. *)
Definition result_and (a b : result unit) : result unit := match a with Ok _ => b | Err e => Err e end.

(** What a pin can be taken on, for all processes: the cells of the open file
    descriptions, the message queues, the System V objects, and the rest. *)
Record RetryWorld (E : Type) : Type := mkRetryWorld { cells : World; mqueues : MqueueTable; sysv : IpcTable; others : E }.
Arguments mkRetryWorld {E}. Arguments cells {E}. Arguments mqueues {E}. Arguments sysv {E}. Arguments others {E}.

(** The part of a process that blocked calls live in. *)
Record RetryProc (F : Type) : Type := mkRetryProc { retry_tables : Proc; retries : BlockingRetryState F }.
Arguments mkRetryProc {F}. Arguments retry_tables {F}. Arguments retries {F}.

(** What the rest of the kernel does. *)
Record RetryEnv (F E : Type) : Type := mkRetryEnv {
  retain_batch : list F -> E -> E * list F * result unit;   (** [retain_reference] of each until one fails *)
  clone_batch : list F -> E -> E * result (list F);         (** [try_clone_retained] *)
  drop_batch : list F -> E -> E;
  drain_releases : E -> E;                                  (** [drain_deferred_scm_rights_releases] *)
  finish_release : OpenFileDesc -> bool -> E -> E * result unit;  (** what a release does behind the description *)
}.
Arguments retain_batch {F E}. Arguments clone_batch {F E}. Arguments drop_batch {F E}. Arguments drain_releases {F E}.
Arguments finish_release {F E}.

(** What the allocations of a binding meet. *)
Record RetryMemory : Type := mkRetryMemory { binding_memory : Memory; pin_admitted : bool }.

Section Pinning.
Context {F E : Type}.
Variable env : RetryEnv F E.
Variable size_of_binding : Z.
Abbreviation State := (RetryProc F * RetryWorld E)%type.

Definition on_retries {A} (m : op (BlockingRetryState F) A) : op State A := fun st =>
  match m (retries (fst st)) with
  | None => None
  | Some (s, r) => Some ((mkRetryProc (retry_tables (fst st)) s, snd st), r)
  end.
Definition on_registry {A} (m : BlockingRetryState F -> BlockingRetryState F * result A) : op State A :=
  on_retries (fun s => Some (m s)).
Definition on_descriptors {A} (m : op ProcState A) : op State A := fun st =>
  match m (cells (snd st), retry_tables (fst st)) with
  | None => None
  | Some ((w, p), r) =>
      Some ((mkRetryProc p (retries (fst st)), mkRetryWorld w (mqueues (snd st)) (sysv (snd st)) (others (snd st))), r)
  end.
Definition on_mqueues {A} (m : MqueueTable -> MqueueTable * result A) : op State A := fun st =>
  let (t, r) := m (mqueues (snd st)) in
  Some ((fst st, mkRetryWorld (cells (snd st)) t (sysv (snd st)) (others (snd st))), r).
Definition on_ipc {A} (m : IpcTable -> IpcTable * result A) : op State A := fun st =>
  let (t, r) := m (sysv (snd st)) in
  Some ((fst st, mkRetryWorld (cells (snd st)) (mqueues (snd st)) t (others (snd st))), r).
Definition on_others {A} (m : E -> E * result A) : op State A := fun st =>
  let (e, r) := m (others (snd st)) in
  Some ((fst st, mkRetryWorld (cells (snd st)) (mqueues (snd st)) (sysv (snd st)) e), r).
Definition change_others (f : E -> E) : op State unit := on_others (fun e => (f e, Ok tt)).

(** The number a call was issued with, as the index of its description: the
    pinned one if this attempt is a retry. *)
Definition resolve_target (t : StableOfdTarget) (p : Proc) : result nat :=
  match Ofd.get (ofd_table p) (ofd_idx t) with
  | None => Err EBADF
  | Some o => if negb (ofd_id o =? stable_id t) then Err EBADF else Ok (ofd_idx t)
  end.
Definition resolve_io_ofd (fd : Z) (p : RetryProc F) : result nat :=
  let? found := active_binding_current (retries p) in
  match found with
  | None => let? entry := Fd.get (fd_table (retry_tables p)) fd in Ok (Z.to_nat (ofd_ref entry))
  | Some b =>
      let? t := match b_target b with
                | TOfd t | TSendmsg t _ | TVector t _ => Ok t
                | TOfdPair input output =>
                    if original_fd input =? fd then Ok input
                    else if original_fd output =? fd then Ok output else Err EINVAL
                | _ => Err EINVAL
                end in
      if negb (original_fd t =? fd) then Err EINVAL else resolve_target t (retry_tables p)
  end.

(** [release_ofd_reference_impl]: the reference, then what depends on it. *)
Definition release_ofd_reference (idx : nat) : op State unit := fun st =>
  match Ofd.get (ofd_table (retry_tables (fst st))) idx with
  | None => Some (st, Err EBADF)
  | Some o => (do! freed <- on_descriptors (release_slot idx); on_others (finish_release env o freed)) st
  end.

Definition stable_ofd_target (fd : Z) : op State StableOfdTarget := fun st =>
  let p := retry_tables (fst st) in
  Some (st,
    let? entry := Fd.get (fd_table p) fd in
    let idx := Z.to_nat (ofd_ref entry) in
    let? o := ok_or (Ofd.get (ofd_table p) idx) EBADF in
    Ok (mkStable fd idx (ofd_id o))).

Definition pin_target (t : StableOfdTarget) : op State unit := on_descriptors (pin_description (ofd_idx t) (stable_id t)).

(** Run [m] and go on with its result as a value. *)
Definition outcome {B} (m : op State unit) (k : result unit -> op State B) : op State B :=
  op_match m (fun _ => k (Ok tt)) (fun e => k (Err e)).

(** Release the references of a target that could not be filed: the first
    error of a release, or [error], is the answer. *)
Fixpoint release_and_fail {B} (l : list StableOfdTarget) (released : result unit) (error : Errno) : op State B :=
  match l with
  | [] => do! _ <- change_others (drain_releases env);
          match released with Ok _ => op_err error | Err e => op_err e end
  | t :: l => outcome (release_ofd_reference (ofd_idx t)) (fun r => release_and_fail l (result_and released r) error)
  end.

(** [ancillary] goes out of scope. *)
Definition drop_option (ancillary : option (list F)) : op State unit :=
  match ancillary with Some batch => change_others (drop_batch env batch) | None => op_ret tt end.

(** The start that all kinds of bindings share: the token the task already
    has for the operation, or a new one to file a target under. *)
Definition begin_binding (mem : Memory) (tid : Z) (o : BlockingRetryOperation) (found : Z -> op State Z) (k : Z -> op State Z) : op State Z :=
  do! s <- op_get (fun st => retries (fst st));
  match token_for tid o s with
  | Ok token => found token
  | Err _ =>
      if has_binding_for_tid tid s then op_err EBUSY
      else do! token <- on_retries (prepare_insert size_of_binding mem); k token
  end.

(** Errors before the batch is retained drop it. *)
Definition dropping {A} (ancillary : option (list F)) (m : op State A) : op State A :=
  op_match m op_ret (fun e => do! _ <- drop_option ancillary; op_err e).

Definition retain_option (ancillary : option (list F)) (k : option (list F) -> op State Z) (h : option (list F) -> Errno -> op State Z) : op State Z :=
  match ancillary with
  | None => k None
  | Some batch => fun st =>
      match retain_batch env batch (others (snd st)) with
      | (e, batch', r) =>
          let st := (fst st, mkRetryWorld (cells (snd st)) (mqueues (snd st)) (sysv (snd st)) e) in
          match r with Ok _ => k (Some batch') st | Err err => h (Some batch') err st end
      end
  end.

Definition ensure_blocking_retry_ofd_binding (mem : RetryMemory) (tid syscall fd : Z) (ancillary : option (list F)) : op State Z :=
  do! o <- dropping ancillary (op_lift (from_syscall syscall));
  if negb (is_single_ofd o) then do! _ <- drop_option ancillary; op_err EINVAL
  else
    do! s <- op_get (fun st => retries (fst st));
    match token_for tid o s with
    | Ok token => do! _ <- drop_option ancillary; op_ret token
    | Err _ =>
        if has_binding_for_tid tid s then do! _ <- drop_option ancillary; op_err EBUSY
        else
          do! token <- dropping ancillary (on_retries (prepare_insert size_of_binding (binding_memory mem)));
          do! target <- dropping ancillary (stable_ofd_target fd);
          do! _ <- dropping ancillary (pin_target target);
          retain_option ancillary
            (fun ancillary =>
               let filed := match ancillary with Some batch => TSendmsg target batch | None => TOfd target end in
               op_match (on_retries (insert_prepared token tid o filed))
                 (fun _ => op_ret token)
                 (fun error => do! _ <- drop_option ancillary; release_and_fail [target] (Ok tt) error))
            (fun ancillary error => do! _ <- drop_option ancillary; release_and_fail [target] (Ok tt) error)
    end.

Definition ensure_blocking_retry_ofd_pair_binding (mem : RetryMemory) (tid syscall input_fd output_fd : Z) : op State Z :=
  do! o <- op_lift (from_syscall syscall);
  if negb (is_pair_ofd o) then op_err EINVAL
  else begin_binding (binding_memory mem) tid o op_ret (fun token =>
    do! input <- stable_ofd_target input_fd;
    do! output <- stable_ofd_target output_fd;
    do! _ <- pin_target input;
    op_match (pin_target output)
      (fun _ =>
         op_match (on_retries (insert_prepared token tid o (TOfdPair input output)))
           (fun _ => op_ret token)
           (fun error => release_and_fail [input; output] (Ok tt) error))
      (fun error => release_and_fail [input] (Ok tt) error)).

Definition ensure_blocking_retry_mqueue_binding (mem : RetryMemory) (tid syscall mqd : Z) : op State Z :=
  do! o <- op_lift (from_syscall syscall);
  match o with
  | OpMqSend | OpMqReceive => begin_binding (binding_memory mem) tid o op_ret (fun token =>
      if mqd <? 0 then op_err EBADF
      else
        do! pinned <- on_mqueues (fun t => pin_descriptor t (pin_admitted mem) mqd);
        op_match (on_retries (insert_prepared token tid o (TMqueue pinned)))
          (fun _ => op_ret token)
          (fun error => outcome (on_mqueues (fun t => release_pinned_descriptor t pinned)) (fun _ => op_err error)))
  | _ => op_err EINVAL
  end.

Definition ensure_blocking_retry_sysv_message_binding (mem : RetryMemory) (tid syscall qid : Z) (pending_send : option PendingSysvMessage)
    : op State Z :=
  do! o <- op_lift (from_syscall syscall);
  match o with
  | OpMsgSend | OpMsgReceive => begin_binding (binding_memory mem) tid o
      (fun token =>
         match pending_send with
         | Some m => do! _ <- on_registry (retain_sysv_message token m); op_ret token
         | None => op_ret token
         end)
      (fun token =>
         do! pinned <- on_ipc (fun t => pin_msg_queue t (pin_admitted mem) qid);
         op_match (on_retries (insert_prepared token tid o (TSysvMessage pinned pending_send)))
           (fun _ => op_ret token)
           (fun error => outcome (on_ipc (fun t => release_msg_queue_pin t pinned)) (fun _ => op_err error)))
  | _ => op_err EINVAL
  end.

Definition ensure_blocking_retry_sysv_semaphore_binding (mem : RetryMemory) (tid syscall semid : Z) : op State Z :=
  do! o <- op_lift (from_syscall syscall);
  if negb (bool_decide (o = OpSemop)) then op_err EINVAL
  else begin_binding (binding_memory mem) tid o op_ret (fun token =>
    do! pinned <- on_ipc (fun t => pin_sem_set t (pin_admitted mem) semid);
    op_match (on_retries (insert_prepared token tid o (TSysvSemaphore pinned)))
      (fun _ => op_ret token)
      (fun error => outcome (on_ipc (fun t => release_sem_set_pin t pinned)) (fun _ => op_err error))).

(** A later attempt that blocks again hands its request back. *)
Definition ensure_blocking_retry_vector_binding (mem : RetryMemory) (tid syscall fd : Z) (pending : PendingVectorIo) : op State Z :=
  do! o <- op_lift (from_syscall syscall);
  if negb (is_single_ofd o) then op_err EINVAL
  else begin_binding (binding_memory mem) tid o
    (fun token => on_registry (fun s =>
       match binding_for_token token s with
       | None => (s, Err ENOENT)
       | Some b =>
           match b_target b with
           | TVector carrier _ =>
               if negb (original_fd carrier =? fd) then (s, Err EINVAL)
               else (update_binding token (TVector carrier (Some pending)) s, Ok token)
           | _ => (s, Err EINVAL)
           end
       end))
    (fun token =>
       do! carrier <- stable_ofd_target fd;
       do! _ <- pin_target carrier;
       op_match (on_retries (insert_prepared token tid o (TVector carrier (Some pending))))
         (fun _ => op_ret token)
         (fun error => release_and_fail [carrier] (Ok tt) error)).

Definition release_blocking_retry_target (t : BlockingRetryTarget F) : op State unit :=
  let drained r := do! _ <- change_others (drain_releases env); op_lift r in
  match t with
  | TOfd t => outcome (release_ofd_reference (ofd_idx t)) drained
  | TOfdPair input output =>
      outcome (release_ofd_reference (ofd_idx input)) (fun first =>
      outcome (release_ofd_reference (ofd_idx output)) (fun second => drained (result_and first second)))
  | TSendmsg carrier ancillary =>
      do! _ <- change_others (drop_batch env ancillary);
      outcome (release_ofd_reference (ofd_idx carrier)) drained
  | TMqueue pinned => on_mqueues (fun t => release_pinned_descriptor t pinned)
  | TSysvMessage queue _ => on_ipc (fun t => release_msg_queue_pin t queue)
  | TSysvSemaphore pinned => on_ipc (fun t => release_sem_set_pin t pinned)
  | TVector carrier _ => outcome (release_ofd_reference (ofd_idx carrier)) drained
  end.

Definition release_blocking_retry_binding (tid token : Z) : op State unit :=
  do! b <- on_registry (take_exact tid token);
  release_blocking_retry_target (b_target b).

Definition release_blocking_retry_bindings_for_tid (tid : Z) : op State unit := fun st =>
  let (s, b) := take_for_tid tid (retries (fst st)) in
  let st := (mkRetryProc (retry_tables (fst st)) s, snd st) in
  match b with
  | None => Some (st, Ok tt)
  | Some b => release_blocking_retry_target (b_target b) st
  end.

(** Every target is released; the first error is the answer. *)
Fixpoint release_targets (l : list (BlockingRetryBinding F)) (first_error : result unit) : op State unit :=
  match l with
  | [] => op_lift first_error
  | b :: l => outcome (release_blocking_retry_target (b_target b)) (fun r => release_targets l (result_and first_error r))
  end.

Definition release_all_blocking_retry_bindings : op State unit := fun st =>
  let (s, l) := take_all (retries (fst st)) in
  release_targets l (Ok tt) (mkRetryProc (retry_tables (fst st)) s, snd st).

(** The pins on tables that outlive the process. *)
Definition discard_target (t : BlockingRetryTarget F) : op State unit :=
  match t with
  | TOfd _ | TOfdPair _ _ | TVector _ _ => op_ret tt
  | TSendmsg _ ancillary => change_others (drop_batch env ancillary)
  | TMqueue pinned => outcome (on_mqueues (fun t => release_pinned_descriptor t pinned)) (fun _ => op_ret tt)
  | TSysvMessage queue _ => outcome (on_ipc (fun t => release_msg_queue_pin t queue)) (fun _ => op_ret tt)
  | TSysvSemaphore pinned => outcome (on_ipc (fun t => release_sem_set_pin t pinned)) (fun _ => op_ret tt)
  end.
Fixpoint discard_targets (l : list (BlockingRetryBinding F)) : op State unit :=
  match l with
  | [] => op_ret tt
  | b :: l => do! _ <- discard_target (b_target b); discard_targets l
  end.
Definition discard_blocking_retry_bindings_for_process_removal : op State unit := fun st =>
  let (s, l) := take_all (retries (fst st)) in
  discard_targets l (mkRetryProc (retry_tables (fst st)) s, snd st).

Definition clone_active_sendmsg_ancillary (tid : Z) : op State (option (list F)) := fun st =>
  match active_binding tid OpSendmsg (retries (fst st)) with
  | Err e => Some (st, Err e)
  | Ok None => Some (st, Ok None)
  | Ok (Some b) =>
      match b_target b with
      | TSendmsg _ ancillary => (do! batch <- on_others (clone_batch env ancillary); op_ret (Some batch)) st
      | _ => Some (st, Err EINVAL)
      end
  end.

Definition take_active_vector_io (tid : Z) (o : BlockingRetryOperation) : op State (option PendingVectorIo) := on_registry (fun s =>
  match active_binding tid o s with
  | Err e => (s, Err e)
  | Ok None => (s, Ok None)
  | Ok (Some b) =>
      match b_target b with
      | TVector carrier pending => (update_binding (b_token b) (TVector carrier None) s, Ok pending)
      | _ => (s, Ok None)
      end
  end).

(** ** The attempt of a parked call *)

(** An unknown number counts as a read. *)
Definition retry_operation (o : RetryOp) : BlockingRetryOperation :=
  match o with
  | FcntlLock _ _ _ _ => OpFcntl
  | FlockOp _ _ _ => OpFlock
  | Transfer syscall _ _ _ _ _ _ _ => match from_syscall syscall with Ok o => o | Err _ => OpRead end
  end.

(** [run] is the call itself. *)
Definition attempt (run : RetryOp -> op State Z) (o : RetryOp) (tid : Z) : op State Z :=
  do! _ <- on_registry (activate tid (token o) (retry_operation o));
  fun st =>
    match run o st with
    | None => None
    | Some (st, r) => Some ((mkRetryProc (retry_tables (fst st)) (clear_active (retries (fst st))), snd st), r)
    end.

(** The start of a dispatch: a task with a binding issues no call but the
    cancellation. *)
Definition SYS_THREAD_CANCEL : Z := 415.
Definition activate_blocking_retry_for_current_task (tid syscall retry_token : Z) (s : BlockingRetryState F) : BlockingRetryState F * result unit :=
  match begin_dispatch tid s with
  | (s, Err e) => (s, Err e)
  | (s, Ok _) =>
      let (s, activation) :=
        if retry_token =? 0 then
          (s, if has_binding_for_tid tid s && negb (syscall =? SYS_THREAD_CANCEL) then Err EBUSY else Ok tt)
        else if retry_token <? 0 then (s, Err EINVAL)
        else match from_syscall syscall with
             | Ok o => activate tid retry_token o s
             | Err e => (s, Err e)
             end in
      (match activation with Err _ => clear_dispatch s | Ok _ => s end, activation)
  end.
End Pinning.
