(* ===== verification/RetryPins.v ===== *)
(** * Pins of message queues and System V objects

    The tables of Mqueue.v and Ipc.v count pins. Here: a pin that is held can
    be released, exactly once, whatever calls come in between, because only
    the pinning and the releasing calls change the pins and no call gives a
    pinned object another id. *)

From S2P Require Import Prelude Mqueue Ipc.

Definition mq_pin (p : PinnedMqueueDescriptor) : Z * Z := (Mqueue.pin_id p, queue_id (pinned_descriptor p)).
Definition ipc_pin (p : Ipc.Pin) : Z * Z := (Ipc.pin_id p, pin_generation p).

(** ** Pins of message queues *)

Lemma mq_pin_spec t adm mqd t' r : Mqueue.wf t -> pin_descriptor t adm mqd = (t', r) -> Mqueue.wf t'
  /\ match r with Ok p => map_to_list (Mqueue.pins t') ≡ₚ mq_pin p :: map_to_list (Mqueue.pins t) | Err _ => t' = t end.
Proof.
  intros Hwf Hrun. split; [by eapply pin_descriptor_wf|]. revert Hrun. unfold pin_descriptor.
  destruct (Mqueue.resolve_descriptor t (Public mqd)) as [d|]; [|by intros [= <- <-]].
  destruct (Mqueue.next_free_pin_id t) as [[i next]|] eqn:Hid; [|by intros [= <- <-]].
  destruct (prepare_io _ _ _); [|by intros [= <- <-]]. unfold ok_or.
  destruct (queues t !! queue_id d); [|by intros [= <- <-]]. destruct (checked_add _ _ _); [|by intros [= <- <-]].
  intros [= <- <-]. apply Mqueue.next_free_pin_id_spec in Hid as [Hn _]; [|apply Hwf]. simpl. by apply map_to_list_insert.
Qed.

Lemma mq_release_spec t p rest : Mqueue.wf t -> map_to_list (Mqueue.pins t) ≡ₚ mq_pin p :: rest ->
  exists t', release_pinned_descriptor t p = (t', Ok tt) /\ Mqueue.wf t' /\ map_to_list (Mqueue.pins t') ≡ₚ rest.
Proof.
  intros Hwf HP. assert (Mqueue.pins t !! Mqueue.pin_id p = Some (queue_id (pinned_descriptor p))) as Hp.
  { apply elem_of_map_to_list. rewrite HP. apply list_elem_of_here. }
  destruct (release_pinned_descriptor t p) as [t' r] eqn:E. pose proof (Mqueue.release_wf _ _ _ _ Hwf E) as Hwf'.
  revert E. unfold release_pinned_descriptor. rewrite bool_decide_eq_true_2 by done. cbn [negb]. unfold ok_or.
  destruct (w_pins _ (wf_core _ Hwf) _ _ Hp) as [q Hq]. rewrite Hq.
  assert (1 <= Mqueue.active_pins q) as Ha.
  { rewrite (w_pinned _ (wf_core _ Hwf) _ _ Hq). pose proof (refs_pos (fun x => x) _ _ _ Hp). simpl in *. lia. }
  unfold checked_sub. rewrite (proj2 (Z.leb_le _ _)) by done. intros [= <- <-]. eexists. split; [done|]. split; [done|].
  rewrite pins_reclaim. simpl. apply (Permutation_cons_inv (a := mq_pin p)). rewrite <- HP. unfold mq_pin.
  rewrite (map_to_list_delete _ _ _ Hp). done.
Qed.


(** Calls that neither pin nor release. *)
Definition mq_plain (c : mq_call) : Prop := match c with CPin _ _ | CRelease _ => False | _ => True end.

Lemma mq_plain_pins t c : Mqueue.wf t -> mq_plain c -> Mqueue.pins (Mqueue.run_call t c) = Mqueue.pins t.
Proof.
  intros Hwf Hc. destruct c; simpl; try done.
  - by apply mq_open_pin.
  - unfold mq_close, ok_or. repeat case_match; simplify_eq/=; by rewrite ?pins_reclaim.
  - unfold mq_unlink, ok_or. repeat case_match; simplify_eq/=; by rewrite ?pins_reclaim.
  - unfold mq_send_for, ok_or. by repeat case_match; simplify_eq/=.
  - unfold mq_receive_for, ok_or. by repeat case_match; simplify_eq/=.
  - unfold mq_notify, ok_or. by repeat case_match; simplify_eq/=.
  - unfold mq_getsetattr, ok_or. by repeat case_match; simplify_eq/=.
Qed.

(** ** Pins of System V objects *)

Section Pools.
Context {B : Type} (P : B -> Prop).
Implicit Types (p : Pool B).

(** The id of the object of a generation, live or removed. *)
Definition named p (g i : Z) : Prop :=
  (exists o, Ipc.live p !! i = Some o /\ generation o = g) \/ (exists o, tombs p !! g = Some o /\ Ipc.id o = i).

(** The objects of the generations below [ng] were there before. *)
Definition inherits (ng : Z) p p' : Prop := forall g i, named p' g i -> g < ng -> named p g i.

Lemma inherits_refl ng p : inherits ng p p.
Proof. by intros g i H _. Qed.
#[local] Hint Resolve inherits_refl : core.

Lemma inherits_update ng p i o o' ps : Ipc.live p !! i = Some o -> generation o' = generation o ->
  inherits ng p (mkPool (<[i := o']> (Ipc.live p)) (tombs p) ps).
Proof.
  intros Ho Hg g j [(x & Hx & <-)|Ht] _; [|by right]. left. simpl in Hx. rewrite lookup_insert in Hx. case_decide; simplify_eq; eauto.
Qed.

Lemma inherits_new p i o : inherits (generation o) p (update_live p i o).
Proof.
  intros g j [(x & Hx & <-)|Ht] Hlt; [|by right]. left. simpl in Hx. rewrite lookup_insert in Hx. case_decide; simplify_eq; [lia|eauto].
Qed.

Lemma inherits_remove ng g0 p pub u : pool_ok P g0 p -> inherits ng p (fst (remove_object p pub u)).
Proof.
  intros Hp. unfold remove_object, ok_or. destruct (Ipc.live p !! pub) as [o|] eqn:Ho; [|done].
  destruct (ipc_check_owner _ _ _); [|done]. intros g i [(x & Hx & Hg)|(x & Hx & Hi)] _; cbn [fst tombs Ipc.live] in Hx.
  { apply lookup_delete_Some in Hx as [_ Hx]. left. eauto. }
  destruct (_ =? 0); [right; eauto|]. rewrite lookup_insert in Hx. case_decide as E; [|right; eauto].
  injection Hx as <-. simpl in Hi, E. left. exists o. split; [|done]. destruct (p_live _ _ _ Hp _ _ Ho) as [Hid _]. congruence.
Qed.

Lemma inherits_release ng p x p' r : release_pin p x = (p', r) -> inherits ng p p'.
Proof.
  assert (forall q r', release_tomb p x = (q, r') -> inherits ng p q) as Ht.
  { intros q r'. unfold release_tomb, ok_or. destruct (tombs p !! pin_generation x) as [o|] eqn:Ho; [|by intros [= <- _]].
    destruct (_ || _); [by intros [= <- _]|]. destruct (checked_sub _ _); [|by intros [= <- _]]. intros [= <- _].
    intros g i [Hl|(y & Hy & Hi)] _; [by left|right]. simpl in Hy. destruct (_ =? 0).
    - apply lookup_delete_Some in Hy as [_ Hy]. eauto.
    - rewrite lookup_insert in Hy. case_decide as E; [|eauto]. injection Hy as <-. subst g. eauto. }
  unfold release_pin, ok_or. destruct (negb _); [by intros [= <- _]|]. destruct (Ipc.live p !! public_id x) as [o|] eqn:Ho; [|apply Ht].
  destruct (_ =? _); [|apply Ht]. destruct (checked_sub _ _); intros [= <- _]; [|done]. by eapply inherits_update.
Qed.

Lemma named_unique g0 p g i j : pool_ok P g0 p -> named p g i -> named p g j -> i = j.
Proof.
  intros Hp [(o & Ho & <-)|(o & Ho & <-)] [(o' & Ho' & E)|(o' & Ho' & <-)].
  - by eapply (p_gen_live _ _ _ Hp).
  - pose proof (p_gen_tombs _ _ _ Hp _ _ Ho). congruence.
  - pose proof (p_gen_tombs _ _ _ Hp _ _ Ho'). congruence.
  - congruence.
Qed.

Lemma named_bound g0 p g i : pool_ok P g0 p -> named p g i -> g < g0.
Proof.
  intros Hp [(o & Ho & <-)|(o & Ho & <-)].
  - by destruct (p_live _ _ _ Hp _ _ Ho) as (_ & _ & ? & _).
  - by destruct (p_tombs _ _ _ Hp _ _ Ho) as (_ & _ & ? & _).
Qed.

(** The pins of a pool are those in [l], and each knows the id of its object. *)
Definition pool_pins p (l : list Pin) : Prop :=
  map_to_list (Ipc.pins p) ≡ₚ map ipc_pin l /\ forall x, In x l -> named p (pin_generation x) (public_id x).

Lemma pool_pins_perm p l l' : l ≡ₚ l' -> pool_pins p l -> pool_pins p l'.
Proof. intros HP [H1 H2]. split; [by rewrite <- HP|]. intros x Hx. apply H2. by apply (Permutation_in _ (symmetry HP)). Qed.

Lemma pool_pins_keep g0 g1 p p' l : pool_ok P g0 p -> pool_ok P g1 p' -> inherits g0 p p' ->
  map_to_list (Ipc.pins p') ≡ₚ map ipc_pin l -> (forall x, In x l -> named p (pin_generation x) (public_id x)) -> pool_pins p' l.
Proof.
  intros Hp Hp' Hin Hl Hn. split; [done|]. intros x Hx. specialize (Hn x Hx).
  assert (Ipc.pins p' !! Ipc.pin_id x = Some (pin_generation x)) as Hpin.
  { apply elem_of_map_to_list. rewrite Hl. apply list_elem_of_In. by apply (in_map ipc_pin) in Hx. }
  assert (exists j, named p' (pin_generation x) j) as [j Hj].
  { destruct (p_pins _ _ _ Hp' _ _ Hpin) as [(i & o & Ho & Hg)|[o Ho]]; [exists i; left; eauto|exists (Ipc.id o); right; eauto]. }
  pose proof (Hin _ _ Hj (named_bound _ _ _ _ Hp Hn)) as Hj'. by rewrite (named_unique _ _ _ _ _ Hp Hn Hj').
Qed.

Lemma pin_object_pins p fresh adm pub p' r l : pool_pins p l -> pin_object p fresh adm pub = (p', r) ->
  (forall i next, fresh = Ok (i, next) -> Ipc.pins p !! i = None) ->
  match r with Ok (x, _) => pool_pins p' (x :: l) | Err _ => p' = p end.
Proof.
  intros [H1 H2] Hrun Hf. revert Hrun. unfold pin_object, ok_or. destruct (Ipc.live p !! pub) as [o|] eqn:Ho; [|by intros [= <- <-]]. cbn [option_map].
  destruct fresh as [[i next]|]; [|by intros [= <- <-]]. destruct (prepare_io _ _ _); [|by intros [= <- <-]].
  destruct (checked_add _ _ _) as [n|]; [|by intros [= <- <-]]. intros [= <- <-]. split.
  - simpl. rewrite map_to_list_insert by (by eapply Hf). by rewrite H1.
  - assert (forall g j, named p g j -> named (mkPool (<[pub := with_pins o n]> (Ipc.live p)) (tombs p) (<[i := generation o]> (Ipc.pins p))) g j) as Hk.
    { intros g j [(x & Hx & Hg)|Ht]; [|by right]. left. simpl. destruct (decide (j = pub)) as [->|Hne].
      - exists (with_pins o n). rewrite lookup_insert_eq. split; [done|]. simplify_eq. done.
      - exists x. by rewrite lookup_insert_ne. }
    intros x [<-|Hx]; apply Hk; [|auto]. left. simpl. eauto.
Qed.

Lemma release_pin_pins g0 p x l : pool_ok P g0 p -> pool_pins p (x :: l) ->
  exists p', release_pin p x = (p', Ok tt) /\ pool_pins p' l.
Proof.
  intros Hp [H1 H2]. assert (Ipc.pins p !! Ipc.pin_id x = Some (pin_generation x)) as Hpin.
  { apply elem_of_map_to_list. rewrite H1. simpl. apply list_elem_of_here. }
  pose proof (refs_pos (fun y => y) _ _ _ Hpin) as Hpos. simpl in Hpos. fold (pin_refs p (pin_generation x)) in Hpos.
  assert (exists p', release_pin p x = (p', Ok tt) /\ Ipc.pins p' = delete (Ipc.pin_id x) (Ipc.pins p)) as (p' & Hrun & Hps).
  { assert (forall o, tombs p !! pin_generation x = Some o -> Ipc.id o = public_id x ->
      exists p', release_tomb p x = (p', Ok tt) /\ Ipc.pins p' = delete (Ipc.pin_id x) (Ipc.pins p)) as Htomb.
    { intros o Ho Hi. unfold release_tomb, ok_or. rewrite Ho. destruct (p_tombs _ _ _ Hp _ _ Ho) as (_ & Hr & _ & Ha & _).
      rewrite Hi, Hr, Z.eqb_refl. simpl. unfold checked_sub. rewrite (proj2 (Z.leb_le 1 _)) by lia. eauto. }
    unfold release_pin. rewrite bool_decide_eq_true_2 by done. cbn [negb].
    destruct (H2 x (or_introl eq_refl)) as [(o & Ho & Hg)|(o & Ho & Hi)].
    - rewrite Ho, (proj2 (Z.eqb_eq _ _) Hg). destruct (p_live _ _ _ Hp _ _ Ho) as (_ & _ & _ & Ha & _).
      unfold ok_or, checked_sub. rewrite (proj2 (Z.leb_le 1 _)) by (rewrite Ha, Hg; lia). eauto.
    - destruct (Ipc.live p !! public_id x) as [o'|] eqn:Ho'; [|by eapply Htomb].
      destruct (Z.eqb_spec (generation o') (pin_generation x)) as [E|]; [|by eapply Htomb].
      pose proof (p_gen_tombs _ _ _ Hp _ _ Ho'). congruence. }
  exists p'. split; [done|]. eapply pool_pins_keep; [exact Hp|by eapply release_pin_ok|by eapply inherits_release| |intros y Hy; apply H2; by right].
  rewrite Hps. apply (Permutation_cons_inv (a := ipc_pin x)). simpl in H1. rewrite <- H1. unfold ipc_pin. by rewrite (map_to_list_delete _ _ _ Hpin).
Qed.
End Pools.

(** ** Calls that neither pin nor release *)

Record quiet (t t' : IpcTable) : Prop := {
  q_msg : Ipc.pins (msg t') = Ipc.pins (msg t); q_sem : Ipc.pins (sem t') = Ipc.pins (sem t);
  q_msgs : inherits (next_generation t) (msg t) (msg t'); q_sems : inherits (next_generation t) (sem t) (sem t') }.

Lemma quiet_same t t' : msg t' = msg t -> sem t' = sem t -> quiet t t'.
Proof. intros E1 E2. split; rewrite ?E1, ?E2; try done; apply inherits_refl. Qed.

Lemma quiet_on_msg {A} t pub found (f : MsgQueue -> MsgQueue * result A) : table_ok t ->
  (forall q, found = Ok q -> Ipc.live (msg t) !! pub = Some q) -> preserves msg_ok f -> quiet t (fst (on_msg t pub found f)).
Proof.
  intros Ht Hf Hp. unfold on_msg. destruct found as [q|]; [|by apply quiet_same]. specialize (Hf q eq_refl).
  destruct (p_live _ _ _ (t_msg _ Ht) _ _ Hf) as (_ & _ & _ & _ & Hb). destruct (Hp q Hb) as [Hh _]. destruct (f q) as [q' r].
  split; simpl; try done; [|apply inherits_refl]. eapply inherits_update; [exact Hf|apply Hh].
Qed.

Lemma quiet_on_sem {A} t pub found (f : SemSet -> SemSet * result A) : table_ok t ->
  (forall q, found = Ok q -> Ipc.live (sem t) !! pub = Some q) -> preserves sem_ok f -> quiet t (fst (on_sem t pub found f)).
Proof.
  intros Ht Hf Hp. unfold on_sem. destruct found as [q|]; [|by apply quiet_same]. specialize (Hf q eq_refl).
  destruct (p_live _ _ _ (t_sem _ Ht) _ _ Hf) as (_ & _ & _ & _ & Hb). destruct (Hp q Hb) as [Hh _]. destruct (f q) as [q' r].
  split; simpl; try done; [apply inherits_refl|]. eapply inherits_update; [exact Hf|apply Hh].
Qed.

Lemma quiet_msgget t adm now k flags u g : quiet t (fst (msgget t adm now k flags u g)).
Proof.
  unfold msgget. destruct (if k =? IPC_PRIVATE then _ else _) as [q|].
  { destruct (_ && _); [by apply quiet_same|]. destruct (ipc_check_perm _ _ _ _ _ _); by apply quiet_same. }
  destruct (_ && _); [by apply quiet_same|]. destruct (next_free_id t) as [[i next]|]; [|by apply quiet_same].
  destruct (next_free_generation t) as [[gn ng]|] eqn:Hg; [|by apply quiet_same]. destruct (prepare_io _ _ _); [|by apply quiet_same].
  apply next_free_generation_ok in Hg as [-> ->]. split; try done; [|apply inherits_refl]. apply inherits_new.
Qed.

Lemma quiet_semget t mv adm now k n flags u g : quiet t (fst (semget t mv adm now k n flags u g)).
Proof.
  unfold semget. destruct (if k =? IPC_PRIVATE then _ else _) as [q|].
  { destruct (_ && _); [by apply quiet_same|]. destruct (ipc_check_perm _ _ _ _ _ _); [|by apply quiet_same].
    repeat case_match; by apply quiet_same. }
  destruct (_ && _); [by apply quiet_same|]. destruct (_ || _); [by apply quiet_same|]. destruct (next_free_id t) as [[i next]|]; [|by apply quiet_same].
  destruct (next_free_generation t) as [[gn ng]|] eqn:Hg; [|by apply quiet_same]. destruct (negb mv); [by apply quiet_same|].
  destruct (prepare_io _ _ _); [|by apply quiet_same].
  apply next_free_generation_ok in Hg as [-> ->]. split; try done; [apply inherits_refl|]. apply inherits_new.
Qed.

Lemma remove_object_pins {B} (p : Pool B) pub u : Ipc.pins (fst (remove_object p pub u)) = Ipc.pins p.
Proof. unfold remove_object, ok_or. by repeat case_match. Qed.

Lemma quiet_msgctl t qid cmd u g : table_ok t -> quiet t (fst (msgctl t qid cmd u g)).
Proof.
  intros Ht. unfold msgctl. destruct (_ =? IPC_STAT).
  { unfold ok_or. destruct (Ipc.live _ !! _); [|by apply quiet_same]. destruct (ipc_check_perm _ _ _ _ _ _); by apply quiet_same. }
  destruct (_ =? IPC_RMID); [|by apply quiet_same]. unfold msgctl_rmid.
  pose proof (remove_object_pins (msg t) qid u) as Hp. pose proof (inherits_remove _ (next_generation t) _ _ qid u (t_msg _ Ht)) as Hi.
  destruct (remove_object (msg t) qid u) as [p [|]]; split; simpl in *; try done; apply inherits_refl.
Qed.

Lemma quiet_semctl t mem now semid n cmd arg u g : table_ok t -> quiet t (fst (semctl t mem now semid n cmd arg u g)).
Proof.
  intros Ht. unfold semctl. destruct (_ =? IPC_STAT).
  { unfold ok_or. destruct (Ipc.live _ !! _); [|by apply quiet_same]. destruct (ipc_check_perm _ _ _ _ _ _); by apply quiet_same. }
  destruct (_ =? IPC_RMID).
  { pose proof (remove_object_pins (sem t) semid u) as Hp. pose proof (inherits_remove _ (next_generation t) _ _ semid u (t_sem _ Ht)) as Hi.
    destruct (remove_object (sem t) semid u) as [p [|]]; split; simpl in *; try done; apply inherits_refl. }
  destruct (_ =? IPC_SET).
  { apply quiet_on_sem; [done|apply found_live|]. intros s Hs. by destruct (ipc_check_owner _ _ _). }
  destruct (_ =? GETVAL); [rewrite sem_get_state; by apply quiet_same|].
  destruct (_ =? SETVAL); [apply quiet_on_sem; [done|apply found_live|apply setval_preserves]|].
  destruct (_ =? GETALL).
  { unfold ok_or. destruct (Ipc.live _ !! _); [|by apply quiet_same]. destruct (ipc_check_perm _ _ _ _ _ _); [|by apply quiet_same].
    destruct mem; by apply quiet_same. }
  do 3 (destruct (_ =? _); [rewrite sem_get_state; by apply quiet_same|]). by apply quiet_same.
Qed.

Definition ipc_plain (c : ipc_call) : Prop :=
  match c with CPinMsg _ _ | CReleaseMsg _ | CPinSem _ _ | CReleaseSem _ => False | _ => True end.

Lemma plain_quiet t c : table_ok t -> Ipc.call_ok c -> ipc_plain c -> quiet t (Ipc.run_call t c).
Proof.
  intros Ht Hok Hc. destruct c; simpl; try done.
  - apply quiet_msgget.
  - unfold msgsnd. destruct (_ <=? 0); [by apply quiet_same|]. apply quiet_on_msg; [done|apply found_live|apply msgsnd_preserves].
  - unfold msgsnd_pinned. destruct (live_for_pin _ _) as [q|] eqn:Hq; [|by apply quiet_same]. destruct (_ <=? 0); [by apply quiet_same|].
    apply quiet_on_msg; [done| |apply msgsnd_preserves]. intros ? [= <-]. by apply found_pin in Hq as [? _].
  - apply quiet_on_msg; [done|apply found_live|apply msgrcv_preserves].
  - apply quiet_on_msg; [done| |apply msgrcv_preserves]. by intros q [? _]%found_pin.
  - by apply quiet_msgctl.
  - apply quiet_on_msg; [done|apply found_live|]. intros q Hq. cbv beta zeta. destruct (ipc_check_owner _ _ _); [|done]. by destruct (_ && _).
  - apply quiet_semget.
  - apply quiet_on_sem; [done|apply found_live|apply semop_preserves].
  - apply quiet_on_sem; [done| |apply semop_preserves]. by intros q [? _]%found_pin.
  - by apply quiet_semctl.
  - apply quiet_on_sem; [done|apply found_live|by apply set_all_preserves].
  - unfold shmget, ok_or. repeat case_match; simplify_eq/=; by apply quiet_same.
  - unfold shmat, ok_or. repeat case_match; simplify_eq/=; by apply quiet_same.
  - unfold shmdt, ok_or. repeat case_match; simplify_eq/=; by apply quiet_same.
  - unfold shm_write_chunk, ok_or. repeat case_match; simplify_eq/=; by apply quiet_same.
  - unfold shmctl, ok_or. repeat case_match; simplify_eq/=; by apply quiet_same.
  - unfold shmctl_set, ok_or. repeat case_match; simplify_eq/=; by apply quiet_same.
Qed.

(** ** The pins of the table *)

Record ipc_pins_ok (t : IpcTable) (msgs sems : list Pin) : Prop := {
  ip_table : table_ok t; ip_msg : pool_pins (msg t) msgs; ip_sem : pool_pins (sem t) sems }.

Lemma ipc_plain_pins t c msgs sems : Ipc.call_ok c -> ipc_plain c -> ipc_pins_ok t msgs sems -> ipc_pins_ok (Ipc.run_call t c) msgs sems.
Proof.
  intros Hok Hc [Ht [M1 M2] [S1 S2]]. pose proof (run_call_ok t c Hok Ht) as Ht'. destruct (plain_quiet t c Ht Hok Hc) as [Q1 Q2 Q3 Q4].
  split; [done| |].
  - eapply pool_pins_keep; [apply (t_msg _ Ht)|apply (t_msg _ Ht')|done|by rewrite Q1|done].
  - eapply pool_pins_keep; [apply (t_sem _ Ht)|apply (t_sem _ Ht')|done|by rewrite Q2|done].
Qed.

Lemma ipc_pins_perm t m m' s s' : m ≡ₚ m' -> s ≡ₚ s' -> ipc_pins_ok t m s -> ipc_pins_ok t m' s'.
Proof. intros Hm Hs [H1 H2 H3]. split; [done|by eapply pool_pins_perm|by eapply pool_pins_perm]. Qed.

Lemma pin_msg_pins t adm qid t' r msgs sems : ipc_pins_ok t msgs sems -> pin_msg_queue t adm qid = (t', r) ->
  ipc_pins_ok t' (match r with Ok x => x :: msgs | Err _ => msgs end) sems.
Proof.
  intros [Ht Hm Hs] Hrun. pose proof (lift_pin_msg_ok t adm qid Ht) as Ht'. rewrite Hrun in Ht'. revert Hrun Ht'. unfold pin_msg_queue, lift_pin.
  destruct (pin_object _ _ _ _) as [p [[x next]|e]] eqn:E; intros [= <- <-] Ht'; simpl in Ht'.
  all: pose proof (pin_object_pins _ _ _ _ _ _ _ Hm E ltac:(intros i n Hf; by apply next_free_pin_id_ok in Hf as (? & ? & _))) as Hp; cbn beta iota in Hp.
  - by split.
  - subst p. by split.
Qed.

Lemma pin_sem_pins t adm qid t' r msgs sems : ipc_pins_ok t msgs sems -> pin_sem_set t adm qid = (t', r) ->
  ipc_pins_ok t' msgs (match r with Ok x => x :: sems | Err _ => sems end).
Proof.
  intros [Ht Hm Hs] Hrun. pose proof (lift_pin_sem_ok t adm qid Ht) as Ht'. rewrite Hrun in Ht'. revert Hrun Ht'. unfold pin_sem_set, lift_pin.
  destruct (pin_object _ _ _ _) as [p [[x next]|e]] eqn:E; intros [= <- <-] Ht'; simpl in Ht'.
  all: pose proof (pin_object_pins _ _ _ _ _ _ _ Hs E ltac:(intros i n Hf; by apply next_free_pin_id_ok in Hf as (? & ? & _))) as Hp; cbn beta iota in Hp.
  - by split.
  - subst p. by split.
Qed.

Lemma release_msg_pins t x msgs sems : ipc_pins_ok t (x :: msgs) sems ->
  exists t', release_msg_queue_pin t x = (t', Ok tt) /\ ipc_pins_ok t' msgs sems.
Proof.
  intros [Ht Hm Hs]. pose proof (run_call_ok t (CReleaseMsg x) I Ht) as Ht'. simpl in Ht'. unfold release_msg_queue_pin in *.
  destruct (release_pin_pins _ _ _ _ _ (t_msg _ Ht) Hm) as (p' & Hrun & Hp'). rewrite Hrun in *. eexists. split; [done|]. by split.
Qed.

Lemma release_sem_pins t x msgs sems : ipc_pins_ok t msgs (x :: sems) ->
  exists t', release_sem_set_pin t x = (t', Ok tt) /\ ipc_pins_ok t' msgs sems.
Proof.
  intros [Ht Hm Hs]. pose proof (run_call_ok t (CReleaseSem x) I Ht) as Ht'. simpl in Ht'. unfold release_sem_set_pin in *.
  destruct (release_pin_pins _ _ _ _ _ (t_sem _ Ht) Hs) as (p' & Hrun & Hp'). rewrite Hrun in *. eexists. split; [done|]. by split.
Qed.
