(* ===== verification/RetryInv.v ===== *)
(** * Stable targets of blocked calls: one call

    What a blocked call holds is a list of pins: references to descriptions,
    message queue pins and System V pins. Every function of BlockedRetry.v is
    shown to keep the pins that the registry of its process files exactly
    those that the tables count, whatever it returns, and not to panic. *)

From S2P Require Import Prelude Mqueue Ipc Lock WaitQueue ProcSignal WaitPark Fd OfdRefs Ofd OfdInv Descriptors DescInv IoBuffer BlockedRetry RetryPins.

(** ** Pins *)

(** A reference to a description (slot and identity), a pin of a message queue
    (pin and queue), and pins of System V objects. *)
Inductive RetryPin : Type := POfd (slot id : Z) | PMq (pin queue : Z) | PMsg (pin : Ipc.Pin) | PSem (pin : Ipc.Pin).

Definition stable_pin (t : StableOfdTarget) : RetryPin := POfd (Z.of_nat (ofd_idx t)) (stable_id t).

Definition target_pins {F} (t : BlockingRetryTarget F) : list RetryPin :=
  match t with
  | TOfd t | TSendmsg t _ | TVector t _ => [stable_pin t]
  | TOfdPair input output => [stable_pin input; stable_pin output]
  | TMqueue p => [PMq (fst (mq_pin p)) (snd (mq_pin p))]
  | TSysvMessage p _ => [PMsg p]
  | TSysvSemaphore p => [PSem p]
  end.

Definition filed_by {F} (l : list (BlockingRetryBinding F)) : list RetryPin := flat_map (fun b => target_pins (b_target b)) l.
Definition filed {F} (s : BlockingRetryState F) : list RetryPin := filed_by (all_bindings s).

Definition ofd_pins (l : list RetryPin) : list (Z * Z) := flat_map (fun p => match p with POfd s i => [(s, i)] | _ => [] end) l.
Definition mq_pins (l : list RetryPin) : list (Z * Z) := flat_map (fun p => match p with PMq k q => [(k, q)] | _ => [] end) l.
Definition msg_pins (l : list RetryPin) : list Ipc.Pin := flat_map (fun p => match p with PMsg x => [x] | _ => [] end) l.
Definition sem_pins (l : list RetryPin) : list Ipc.Pin := flat_map (fun p => match p with PSem x => [x] | _ => [] end) l.

#[global] Instance ofd_pins_proper : Proper ((≡ₚ) ==> (≡ₚ)) ofd_pins.
Proof. intros l l' H. by apply Permutation_flat_map. Qed.
#[global] Instance mq_pins_proper : Proper ((≡ₚ) ==> (≡ₚ)) mq_pins.
Proof. intros l l' H. by apply Permutation_flat_map. Qed.
#[global] Instance msg_pins_proper : Proper ((≡ₚ) ==> (≡ₚ)) msg_pins.
Proof. intros l l' H. by apply Permutation_flat_map. Qed.
#[global] Instance sem_pins_proper : Proper ((≡ₚ) ==> (≡ₚ)) sem_pins.
Proof. intros l l' H. by apply Permutation_flat_map. Qed.
#[global] Instance filed_by_proper F : Proper ((≡ₚ) ==> (≡ₚ)) (@filed_by F).
Proof. intros l l' H. by apply Permutation_flat_map. Qed.

Lemma member_ok_perm pid p ps ps' outs : ps ≡ₚ ps' -> member_ok pid (mkMember p ps outs) -> member_ok pid (mkMember p ps' outs).
Proof.
  intros HP [M1 M2 M3 M4 M5 M6 M7 M8 M9]. split; cbn [tables DescInv.pins outstanding] in *; try done.
  - intros slot id Hin. apply M4. exact (Permutation_in _ (Permutation_sym HP) Hin).
  - intros i o Ho. specialize (M5 i o Ho). replace (pinned ps' (Z.of_nat i)) with (pinned ps (Z.of_nat i)); [done|].
    unfold pinned, occurrences. f_equal. apply Permutation_length. clear -HP.
    induction HP; simpl; repeat case_match; eauto using Permutation.
Qed.

Lemma evolves_pins pid R m w p ps ps' outs w' : ps ≡ₚ ps' -> evolves pid R m w (mkMember p ps outs) w' -> evolves pid R m w (mkMember p ps' outs) w'.
Proof. intros HP [E1 E2 E3]. split; [by eapply member_ok_perm|done|done]. Qed.


(** ** The registry *)

Section Registry.
Context {F : Type}.
Implicit Types (s : BlockingRetryState F) (b : BlockingRetryBinding F).

Record registry_ok s : Prop := {
  ro_buf : buf_ok (bindings s);
  ro_tokens : NoDup (map b_token (all_bindings s));
  ro_tids : NoDup (map b_tid (all_bindings s));
  ro_range : forall b, In b (all_bindings s) -> 1 <= b_token b < next_token s;
  ro_supports : forall b, In b (all_bindings s) -> supports (b_target b) (b_operation b) = true;
  ro_active : forall tid tok o, active s = Some (tid, tok, o) ->
    exists b, In b (all_bindings s) /\ b_token b = tok /\ b_tid b = tid /\ b_operation b = o;
  ro_next : 1 <= next_token s;
}.

(** A target without the bytes that travel with it. *)
Definition bare (t : BlockingRetryTarget F) : BlockingRetryTarget F :=
  match t with TSysvMessage q _ => TSysvMessage q None | TVector c _ => TVector c None | _ => t end.

Record same_call b b' : Prop := {
  sc_token : b_token b' = b_token b; sc_tid : b_tid b' = b_tid b; sc_operation : b_operation b' = b_operation b;
  sc_target : bare (b_target b') = bare (b_target b) }.

#[global] Instance same_call_preorder : PreOrder same_call.
Proof. split; [done|]. intros a b c [H1 H2 H3 H4] [G1 G2 G3 G4]. split; congruence. Qed.

(** What [s'] files under a token that [s] had given out, [s] files too. *)
Definition kept s s' : Prop :=
  next_token s <= next_token s'
  /\ forall b', In b' (all_bindings s') -> b_token b' < next_token s -> exists b, In b (all_bindings s) /\ same_call b b'.

#[global] Instance kept_preorder : PreOrder kept.
Proof.
  split.
  - intros s. split; [done|]. intros b Hb _. by exists b.
  - intros s1 s2 s3 [H1 H2] [H3 H4]. split; [lia|]. intros b3 Hb3 Hlt. destruct (H4 b3 Hb3) as (b2 & Hb2 & E2); [lia|].
    destruct (H2 b2 Hb2) as (b1 & Hb1 & E1); [rewrite <- (sc_token _ _ E2); lia|]. exists b1. split; [done|]. by etransitivity.
Qed.

Lemma kept_sub s s' : next_token s <= next_token s' -> (forall b, In b (all_bindings s') -> In b (all_bindings s)) -> kept s s'.
Proof. intros H1 H2. split; [done|]. intros b Hb _. exists b. split; [auto|reflexivity]. Qed.

Lemma bare_pins (t t' : BlockingRetryTarget F) : bare t = bare t' -> target_pins t = target_pins t'.
Proof. destruct t, t'; simpl; congruence. Qed.

Lemma bare_supports (t t' : BlockingRetryTarget F) o : bare t = bare t' -> supports t o = supports t' o.
Proof. destruct t, t'; simpl; congruence. Qed.

(** Bindings stay, the rest changes. *)
Lemma registry_same s s' : registry_ok s -> all_bindings s' = all_bindings s -> buf_ok (bindings s') -> next_token s <= next_token s' ->
  (forall tid tok o, active s' = Some (tid, tok, o) -> exists b, In b (all_bindings s) /\ b_token b = tok /\ b_tid b = tid /\ b_operation b = o) ->
  registry_ok s' /\ kept s s' /\ filed s' = filed s.
Proof.
  intros [H1 H2 H3 H4 H5 H6 H7] E Hb Hn Ha. split_and!.
  - split; rewrite ?E; try done; [|lia]. intros b Hin. specialize (H4 b Hin). lia.
  - apply kept_sub; [done|]. by rewrite E.
  - unfold filed. by rewrite E.
Qed.

Lemma find_token s b : registry_ok s -> In b (all_bindings s) -> binding_for_token (b_token b) s = Some b.
Proof.
  intros Hs Hb. unfold binding_for_token. pose proof (ro_tokens _ Hs) as Hn. revert Hb Hn. generalize (all_bindings s).
  induction l as [|x l IH]; simpl; [done|]. unfold has_token at 1. intros [->|Hb] [Hx Hn]%NoDup_cons; [by rewrite Z.eqb_refl|].
  destruct (Z.eqb_spec (b_token x) (b_token b)) as [E|]; [|by apply IH]. destruct Hx. rewrite E. apply list_elem_of_In. by apply in_map.
Qed.

Lemma binding_for_token_Some s token b : binding_for_token token s = Some b -> In b (all_bindings s) /\ b_token b = token.
Proof. unfold binding_for_token. intros H. destruct (find_some _ _ H) as [Hb Ht]. split; [done|]. by apply Z.eqb_eq in Ht. Qed.

Lemma activate_ok tid token o s s' r : registry_ok s -> activate tid token o s = (s', r) ->
  registry_ok s' /\ kept s s' /\ filed s' = filed s
  /\ (r = Ok tt -> active s' = Some (tid, token, o) /\ all_bindings s' = all_bindings s).
Proof.
  intros Hs. unfold activate. destruct (active s) as [a|] eqn:Ea; [intros [= <- <-]; by split_and!|].
  destruct (binding_for_token token s) as [b|] eqn:Eb; [|intros [= <- <-]; by split_and!].
  destruct (_ || _) eqn:E; intros [= <- <-]; [by split_and!|]. apply orb_false_iff in E as [E1%negb_false_iff E2%negb_false_iff].
  to_prop. apply binding_for_token_Some in Eb as [Hb Ht].
  destruct (registry_same s (with_active s (Some (tid, token, o))) Hs) as (R1 & R2 & R3); [done|apply Hs|done| |by split_and!].
  simpl. intros ? ? ? [= <- <- <-]. by exists b.
Qed.

Lemma clear_active_ok s : registry_ok s -> registry_ok (clear_active s) /\ kept s (clear_active s) /\ filed (clear_active s) = filed s.
Proof. intros Hs. apply registry_same; [done..|apply Hs|done|done]. Qed.

Lemma dispatch_ok d s : registry_ok s -> registry_ok (with_dispatch s d) /\ kept s (with_dispatch s d) /\ filed (with_dispatch s d) = filed s.
Proof. intros Hs. apply registry_same; [done..|apply Hs|done|apply Hs]. Qed.

(** Removing the binding at a position that is not the active one. *)
Lemma remove_ok s i b a : registry_ok s -> all_bindings s !! i = Some b ->
  (forall tid tok o, a = Some (tid, tok, o) -> active s = a /\ tok <> b_token b) ->
  let s' := with_active (remove_binding i s) a in
  registry_ok s' /\ kept s s' /\ all_bindings s ≡ₚ b :: all_bindings s' /\ filed s ≡ₚ target_pins (b_target b) ++ filed s'.
Proof.
  intros Hs Hi Ha s'. pose proof Hs as [H1 H2 H3 H4 H5 H6 H7]. pose proof (swap_remove_perm _ _ _ Hi) as HP.
  change (swap_remove i (all_bindings s)) with (all_bindings s') in HP.
  assert (forall x, In x (all_bindings s') -> In x (all_bindings s)) as Hsub.
  { intros x Hx. apply (Permutation_in _ (Permutation_sym HP)). by right. }
  split_and!; [split| |done|].
  - unfold buf_ok, len in *. change (values (bindings s)) with (all_bindings s) in H1. rewrite HP in H1. simpl in *.
    change (swap_remove i (all_bindings s)) with (all_bindings s'). lia.
  - rewrite (Permutation_map b_token HP) in H2. by apply NoDup_cons in H2 as [_ ?].
  - rewrite (Permutation_map b_tid HP) in H3. by apply NoDup_cons in H3 as [_ ?].
  - intros x Hx. by apply H4, Hsub.
  - intros x Hx. by apply H5, Hsub.
  - simpl. intros tid tok o E. destruct (Ha _ _ _ E) as [Ea Hne]. rewrite <- Ea in E. destruct (H6 _ _ _ E) as (x & Hx & Hx').
    exists x. split; [|done]. destruct (Permutation_in _ HP Hx) as [->|?]; [|done]. by destruct Hx' as [<- _].
  - done.
  - by apply kept_sub.
  - unfold filed at 1, filed_by. by rewrite HP.
Qed.

Lemma take_exact_ok tid token s s' r : registry_ok s -> take_exact tid token s = (s', r) ->
  registry_ok s' /\ kept s s' /\ match r with
  | Ok b => In b (all_bindings s) /\ b_tid b = tid /\ b_token b = token /\ filed s ≡ₚ target_pins (b_target b) ++ filed s'
  | Err _ => s' = s
  end.
Proof.
  intros Hs. unfold take_exact. destruct (match active s with Some _ => _ | None => _ end) eqn:Ea; [by intros [= <- <-]|].
  destruct (position _ _) as [i|] eqn:Hp; [|by intros [= <- <-]]. apply position_Some in Hp as (b & Hi & Hb & _). rewrite Hi.
  apply andb_true_iff in Hb as [Ht Hk]. to_prop. intros [= <- <-].
  destruct (remove_ok s i b (active s) Hs Hi) as (R1 & R2 & R3 & R4).
  { intros a_tid a_tok o E. split; [done|]. rewrite E in Ea. intros ->. destruct (ro_active _ Hs _ _ _ E) as (x & Hx & X1 & X2 & _).
    assert (x = b) as ->; [|subst; by rewrite !Z.eqb_refl in Ea].
    pose proof (find_token _ _ Hs Hx). assert (In b (all_bindings s)) as Hb by (by apply list_elem_of_lookup_2, list_elem_of_In in Hi).
    pose proof (find_token _ _ Hs Hb). congruence. }
  split_and!; try done. by apply list_elem_of_lookup_2, list_elem_of_In in Hi.
Qed.

Lemma take_for_tid_ok tid s s' r : registry_ok s -> take_for_tid tid s = (s', r) ->
  registry_ok s' /\ kept s s' /\ match r with
  | Some b => In b (all_bindings s) /\ filed s ≡ₚ target_pins (b_target b) ++ filed s'
  | None => filed s' = filed s
  end.
Proof.
  intros Hs. unfold take_for_tid. set (a := match active s with Some _ => _ | None => _ end).
  set (s1 := mkRetries _ _ a _ _). destruct (registry_same s s1 Hs) as (R1 & R2 & R3); [done|apply Hs|done| |].
  { simpl. intros a_tid tok o. unfold a. destruct (active s) as [[[x y] z]|] eqn:E; [|done]. destruct (Z.eqb_spec x tid); [done|].
    intros [= <- <- <-]. by apply Hs. }
  destruct (position _ _) as [i|] eqn:Hp; intros [= <- <-]; [|done].
  apply position_Some in Hp as (b & Hi & Hb & _). to_prop. unfold has_tid in Hb. to_prop. rewrite Hi.
  destruct (remove_ok s1 i b (active s1) R1 Hi) as (Q1 & Q2 & Q3 & Q4).
  { intros a_tid a_tok o E. split; [done|]. intros ->. simpl in E. unfold a in E. destruct (active s) as [[[x y] z]|] eqn:Ea; [|done].
    destruct (Z.eqb_spec x tid) as [|Hne]; [done|]. injection E as -> -> ->. destruct (ro_active _ R1 a_tid (b_token b) o) as (y & Hy & Y1 & Y2 & _).
    { done. }
    assert (In b (all_bindings s1)) as Hin by (by apply list_elem_of_lookup_2, list_elem_of_In in Hi).
    pose proof (find_token _ _ R1 Hy). pose proof (find_token _ _ R1 Hin). congruence. }
  split_and!; [done|by etransitivity|by apply list_elem_of_lookup_2, list_elem_of_In in Hi|]. by rewrite <- R3.
Qed.

(** The payload of a binding changes, its target does not. *)
Lemma update_binding_ok token t s b : registry_ok s -> binding_for_token token s = Some b -> bare t = bare (b_target b) ->
  let s' := update_binding token t s in registry_ok s' /\ kept s s' /\ filed s' = filed s.
Proof.
  intros Hs Hb Hbare s'. pose proof Hs as [H1 H2 H3 H4 H5 H6 H7]. unfold s', update_binding.
  destruct (position _ _) as [i|] eqn:Hp; [|by split_and!]. pose proof Hp as (x & Hi & Hx & _)%position_Some. rewrite Hi.
  apply binding_for_token_Some in Hb as [Hin Ht]. assert (x = b) as ->.
  { apply Z.eqb_eq in Hx. pose proof (find_token _ _ Hs Hin). apply list_elem_of_lookup_2, list_elem_of_In in Hi.
    pose proof (find_token _ _ Hs Hi). congruence. }
  set (b' := mkBinding _ _ _ t). set (l := <[i := b']> (all_bindings s)).
  set (s1 := with_bindings s _).
  assert (forall x, In x l -> exists y, In y (all_bindings s) /\ same_call y x) as Hold.
  { intros x (j & Hj)%list_elem_of_In%list_elem_of_lookup_1. unfold l in Hj. destruct (decide (i = j)) as [<-|Hne].
    - rewrite list_lookup_insert_eq in Hj by (by eapply lookup_lt_Some). injection Hj as <-. by exists b.
    - rewrite list_lookup_insert_ne in Hj by done. exists x. split; [|done]. by eapply list_elem_of_In, list_elem_of_lookup_2. }
  assert (forall {A} (f : BlockingRetryBinding F -> A), f b' = f b -> map f l = map f (all_bindings s)) as Hmap.
  { intros A f E. unfold l. change (map f ?x) with (f <$> x). rewrite list_fmap_insert, E.
    apply list_insert_id. by rewrite list_lookup_fmap, Hi. }
  split_and!; [split| |].
  - unfold buf_ok, len in *. simpl. unfold l. by rewrite length_insert.
  - change (all_bindings s1) with l. by rewrite Hmap.
  - change (all_bindings s1) with l. by rewrite Hmap.
  - intros y (z & Hz & E)%Hold. rewrite (sc_token _ _ E). by apply H4.
  - intros y (z & Hz & E)%Hold. rewrite (sc_operation _ _ E), (bare_supports _ _ _ (sc_target _ _ E)). by apply H5.
  - intros tid tok o E. destruct (H6 _ _ _ E) as (y & Hy & Y1 & Y2 & Y3). change (all_bindings s1) with l.
    apply list_elem_of_In, list_elem_of_lookup_1 in Hy as (j & Hj). destruct (decide (i = j)) as [<-|Hne].
    + exists b'. rewrite Hi in Hj. injection Hj as <-. split; [|done]. apply list_elem_of_In.
      apply list_elem_of_lookup_2 with i. unfold l. rewrite list_lookup_insert_eq; [done|by eapply lookup_lt_Some].
    + exists y. split; [|done]. apply list_elem_of_In. apply list_elem_of_lookup_2 with j. unfold l. by rewrite list_lookup_insert_ne.
  - done.
  - split; [done|]. intros y Hy _. by apply Hold.
  - unfold filed, filed_by. change (all_bindings s1) with l. rewrite !flat_map_concat_map. f_equal. apply Hmap. by apply bare_pins.
Qed.

Lemma retain_sysv_message_ok token m s s' r : registry_ok s -> retain_sysv_message token m s = (s', r) ->
  registry_ok s' /\ kept s s' /\ filed s' = filed s.
Proof.
  intros Hs. unfold retain_sysv_message. destruct (binding_for_token token s) as [b|] eqn:Eb; [|intros [= <- <-]; by split_and!].
  destruct (negb _); [intros [= <- <-]; by split_and!|].
  destruct (b_target b) as [| | | |q [|]| |] eqn:Et; intros [= <- <-]; try by split_and!.
  eapply update_binding_ok; [done|done|]. by rewrite Et.
Qed.

Lemma take_all_ok s : registry_ok s -> let s' := fst (take_all s) in registry_ok s' /\ kept s s' /\ filed s' = [].
Proof.
  intros [H1 H2 H3 H4 H5 H6 H7] s'. split_and!; [split; simpl; try done; try constructor| |done]. by apply kept_sub.
Qed.

(** A token that can be filed: given out, unused, and with room for it. *)
Record fresh_token (tid token : Z) s : Prop := {
  ft_range : 1 <= token < next_token s; ft_room : len (bindings s) < capacity (bindings s);
  ft_unused : forall b, In b (all_bindings s) -> b_token b <> token /\ b_tid b <> tid }.

Lemma prepare_insert_ok size mem tid s : registry_ok s -> has_binding_for_tid tid s = false ->
  exists s' r, prepare_insert size mem s = Some (s', r) /\ registry_ok s' /\ kept s s' /\ filed s' = filed s
    /\ forall token, r = Ok token -> fresh_token tid token s' /\ token = next_token s.
Proof.
  intros Hs Hno. unfold prepare_insert. destruct (i64_max <? next_token s); [eexists _, _; by split_and!|].
  destruct (try_reserve_spec size mem 1 (bindings s)) as (l & r & -> & R1 & R2 & R3 & R4).
  pose proof (ro_buf _ Hs) as Hb.
  destruct r as [[]|e]; eexists _, _; (split; [done|]).
  - specialize (R3 eq_refl). set (s1 := mkRetries _ _ _ _ _).
    assert (all_bindings s1 = all_bindings s) as E1 by (unfold all_bindings; simpl; by rewrite R1).
    assert (buf_ok (bindings s1)) as Hb1 by (unfold buf_ok, len in *; simpl; rewrite R1; lia).
    destruct (registry_same s s1 Hs E1 Hb1) as (Q1 & Q2 & Q3); [simpl; lia|apply Hs|split_and!; [exact Q1|exact Q2|exact Q3|]].
    intros token [= <-]. split; [|done]. split; [simpl; pose proof (ro_next _ Hs); lia|unfold len in *; simpl; rewrite R1; lia|].
    rewrite E1. intros b Hin. split; [pose proof (ro_range _ Hs b Hin); lia|]. intros <-.
    assert (has_binding_for_tid (b_tid b) s = true); [|congruence]. apply existsb_exists. exists b. split; [done|apply Z.eqb_refl].
  - destruct (R4 e eq_refl) as [-> _]. destruct (registry_same s (with_bindings s (bindings s)) Hs) as (Q1 & Q2 & Q3); [done|apply Hs|done|apply Hs|].
    split_and!; [exact Q1|exact Q2|exact Q3|intros ? [=]].
Qed.

Lemma insert_prepared_ok token tid o t s : registry_ok s -> fresh_token tid token s ->
  exists s' r, insert_prepared token tid o t s = Some (s', r) /\
  match r with
  | Ok _ => registry_ok s' /\ all_bindings s' = all_bindings s ++ [mkBinding token tid o t]
      /\ next_token s' = next_token s /\ active s' = active s
  | Err e => s' = s /\ supports t o = false
  end.
Proof.
  intros Hs [Ft Fr Fu]. pose proof Hs as [H1 H2 H3 H4 H5 H6 H7]. unfold insert_prepared. destruct (supports t o) eqn:Et; cbn [negb].
  2: { by eexists _, _. }
  rewrite (proj2 (Z.leb_gt _ _)) by lia. simpl. destruct (existsb _ _) eqn:Ex.
  { apply existsb_exists in Ex as (b & Hb & E). destruct (Fu b Hb) as [N1 N2]. apply orb_true_iff in E as [E|E]; to_prop; done. }
  destruct (push_spec (mkBinding token tid o t) (bindings s) Fr) as [-> Hb]. eexists _, _. split; [done|]. cbn beta iota.
  unfold all_bindings in *. simpl. split_and!; [|done..]. split; unfold all_bindings; simpl.
  - done.
  - rewrite map_app. apply NoDup_app. split_and!; [done| |apply NoDup_singleton]. simpl. intros x (b & <- & Hx)%list_elem_of_In%in_map_iff.
    intros E%list_elem_of_singleton. by destruct (Fu b Hx).
  - rewrite map_app. apply NoDup_app. split_and!; [done| |apply NoDup_singleton]. simpl. intros x (b & <- & Hx)%list_elem_of_In%in_map_iff.
    intros E%list_elem_of_singleton. by destruct (Fu b Hx).
  - intros b [Hin|[<-|[]]]%in_app_iff; [by apply H4|done].
  - intros b [Hin|[<-|[]]]%in_app_iff; [by apply H5|done].
  - intros x y z E. destruct (H6 _ _ _ E) as (b & Hin & ?). exists b. split; [|done]. apply in_app_iff. by left.
  - done.
Qed.
End Registry.

Lemma ofd_pins_app l l' : ofd_pins (l ++ l') = ofd_pins l ++ ofd_pins l'.
Proof. apply flat_map_app. Qed.
Lemma mq_pins_app l l' : mq_pins (l ++ l') = mq_pins l ++ mq_pins l'.
Proof. apply flat_map_app. Qed.
Lemma msg_pins_app l l' : msg_pins (l ++ l') = msg_pins l ++ msg_pins l'.
Proof. apply flat_map_app. Qed.
Lemma sem_pins_app l l' : sem_pins (l ++ l') = sem_pins l ++ sem_pins l'.
Proof. apply flat_map_app. Qed.

(** ** One call *)

Section Local.
Context {F E : Type} (env : RetryEnv F E) (size_of_binding : Z).
Abbreviation State := (RetryProc F * RetryWorld E)%type.
(** The process before the call, the descriptions and the pins of the others. *)
Context (pid : Z) (R : list Key) (m0 : Member) (w0 : World) (s0 : BlockingRetryState F) (frame : list RetryPin).

(** The pins in the registry and the pins [held] by the call in progress are
    those that the tables count. *)
Record local_ok (held : list RetryPin) (st : State) : Prop := {
  lo_ev : evolves pid R m0 w0 (mkMember (retry_tables (fst st)) (ofd_pins (filed (retries (fst st)) ++ held)) (outstanding m0)) (cells (snd st));
  lo_reg : registry_ok (retries (fst st));
  lo_kept : kept s0 (retries (fst st));
  lo_wf : Mqueue.wf (mqueues (snd st));
  lo_mq : map_to_list (Mqueue.pins (mqueues (snd st))) ≡ₚ mq_pins (filed (retries (fst st)) ++ held ++ frame);
  lo_ipc : ipc_pins_ok (sysv (snd st)) (msg_pins (filed (retries (fst st)) ++ held ++ frame)) (sem_pins (filed (retries (fst st)) ++ held ++ frame)) }.

Lemma local_refile held held' p s s' w : local_ok held (mkRetryProc p s, w) -> registry_ok s' -> kept s0 s' ->
  filed s ++ held ≡ₚ filed s' ++ held' -> local_ok held' (mkRetryProc p s', w).
Proof.
  intros [H1 H2 H3 H4 H5 H6] Hs' Hk HP. cbn [fst snd retry_tables retries] in *.
  assert (filed s ++ held ++ frame ≡ₚ filed s' ++ held' ++ frame) as HP' by (by rewrite !app_assoc, HP).
  split; cbn [fst snd retry_tables retries]; try done.
  - eapply evolves_pins; [|exact H1]. by rewrite HP.
  - by rewrite <- HP'.
  - eapply ipc_pins_perm; [| |exact H6]; by rewrite HP'.
Qed.

Lemma local_same held p s s' w : local_ok held (mkRetryProc p s, w) -> registry_ok s' -> kept s s' -> filed s' = filed s ->
  local_ok held (mkRetryProc p s', w).
Proof. intros H1 H2 H3 H4. eapply local_refile; [done|done| |by rewrite H4]. etransitivity; [apply H1|done]. Qed.

Lemma local_perm held held' st : held ≡ₚ held' -> local_ok held st -> local_ok held' st.
Proof. intros HP H. destruct st as [[p s] w]. eapply local_refile; [done|apply H|apply H|]. by rewrite HP. Qed.

(** The state of the call with the registry [s]. *)
Definition calling (held : list RetryPin) (s : BlockingRetryState F) (st : State) : Prop := local_ok held st /\ retries (fst st) = s.

Lemma calling_here held st : local_ok held st -> calling held (retries (fst st)) st.
Proof. done. Qed.

(** *** Steps that leave the registry alone *)

Ltac open_local := intros [[p s'] w] [H <-]; pose proof H as [H1 H2 H3 H4 H5 H6]; cbn [fst snd retry_tables retries] in *.
Ltac close_local := split; cbn [fst snd retry_tables retries cells mqueues sysv]; rewrite ?ofd_pins_app, ?mq_pins_app, ?msg_pins_app, ?sem_pins_app in *; try done.

Lemma others_triple {A} held s (f : E -> E * result A) : triple (calling held s) (on_others f) (fun st _ => calling held s st).
Proof.
  intros st [H Hs]. unfold on_others. destruct (f (others (snd st))) as [e r]. eexists _, _. split; [done|]. split; [|done]. destruct H. by split.
Qed.

Lemma change_others_triple held s (f : E -> E) : triple (calling held s) (change_others f) (fun st r => calling held s st /\ r = Ok tt).
Proof.
  intros st [H Hs]. unfold change_others, on_others. eexists _, _. split; [done|]. split; [|done]. split; [|done]. destruct H. by split.
Qed.

Lemma drop_option_triple held s o : triple (calling held s) (drop_option env o) (fun st r => calling held s st /\ r = Ok tt).
Proof. destruct o; [apply change_others_triple|]. intros st H. eexists _, _. by split_and!. Qed.

Lemma pin_target_triple held s t : triple (calling held s) (pin_target t)
  (fun st r => calling (match r with Ok _ => stable_pin t :: held | Err _ => held end) s st).
Proof.
  open_local. unfold pin_target, on_descriptors. cbn [fst snd retry_tables].
  set (m1 := mkMember p _ _) in H1.
  destruct (pin_description_spec pid R m1 (cells w) (ev_member _ _ _ _ _ _ H1) (moves_cells _ _ _ _ (ev_moves _ _ _ _ _ _ H1)) (ofd_idx t) (stable_id t))
    as ([w' p'] & r & Hrun & Hev & Hw & _). cbn [tables m1] in Hrun. rewrite Hrun. cbn [fst snd] in *. subst w'. eexists _, r. split; [done|]. split; [|done].
  pose proof (evolves_trans _ _ _ _ _ _ _ _ H1 Hev) as H7. destruct r as [[]|e]; close_local.
  all: eapply evolves_pins; [|exact H7]; unfold m1; cbn [DescInv.pins]; rewrite ofd_pins_app; first [apply Permutation_middle|done].
Qed.

Lemma release_reference_triple held s t : triple (calling (stable_pin t :: held) s) (release_ofd_reference env (ofd_idx t))
  (fun st _ => calling held s st).
Proof.
  open_local.
  set (m1 := mkMember p _ _) in H1.
  destruct (description_unpin_spec pid R m1 (cells w) (ev_member _ _ _ _ _ _ H1) (moves_cells _ _ _ _ (ev_moves _ _ _ _ _ _ H1))
    (ofd_pins (filed s')) (Z.of_nat (ofd_idx t)) (stable_id t) (ofd_pins held)) as (i & o & o' & [w' p'] & Hi & Ho & _ & _ & Hrun & _ & _ & Hev).
  { simpl. by rewrite ofd_pins_app. }
  apply Nat2Z.inj in Hi as <-. rewrite Nat2Z.id in Hrun. unfold release_ofd_reference. cbn [fst retry_tables].
  assert (Ofd.get (ofd_table p) (ofd_idx t) = Some o) as -> by (by apply get_tview).
  unfold op_bind, on_descriptors. cbn [fst snd retry_tables]. cbn [tables m1] in Hrun. rewrite Hrun. cbn [fst snd] in Hev.
  apply others_triple. split; [|done]. close_local.
  by eapply evolves_trans.
Qed.

Lemma pin_mqueue_triple held s adm mqd : triple (calling held s) (on_mqueues (fun t => pin_descriptor t adm mqd))
  (fun st r => calling (match r with Ok x => PMq (fst (mq_pin x)) (snd (mq_pin x)) :: held | Err _ => held end) s st).
Proof.
  open_local. unfold on_mqueues. cbn [fst snd].
  destruct (pin_descriptor (mqueues w) adm mqd) as [t r] eqn:Ep. destruct (mq_pin_spec _ _ _ _ _ H4 Ep) as [Hwf Hp]. eexists _, r. split; [done|]. split; [|done].
  destruct r as [x|e]; [|subst t; by split]. close_local.
  rewrite Hp, H5. simpl. rewrite <- Permutation_middle. by destruct x.
Qed.

Lemma release_mqueue_triple held s x : triple (calling (PMq (fst (mq_pin x)) (snd (mq_pin x)) :: held) s) (on_mqueues (fun t => release_pinned_descriptor t x))
  (fun st r => calling held s st /\ r = Ok tt).
Proof.
  open_local. unfold on_mqueues. cbn [fst snd].
  destruct (mq_release_spec (mqueues w) x (mq_pins (filed s' ++ held ++ frame)) H4) as (t & -> & Hwf & Hp).
  { rewrite H5, !mq_pins_app. simpl. rewrite <- Permutation_middle. by destruct x. }
  eexists _, _. split; [done|]. split; [|done]. split; [|done]. close_local.
Qed.

Lemma pin_message_triple held s adm qid : triple (calling held s) (on_ipc (fun t => pin_msg_queue t adm qid))
  (fun st r => calling (match r with Ok x => PMsg x :: held | Err _ => held end) s st).
Proof.
  open_local. unfold on_ipc. cbn [fst snd].
  destruct (pin_msg_queue (sysv w) adm qid) as [t r] eqn:Ep. pose proof (pin_msg_pins _ _ _ _ _ _ _ H6 Ep) as Hp. eexists _, r. split; [done|]. split; [|done].
  destruct r as [x|e]; [|by split]. close_local.
  eapply ipc_pins_perm; [|done|exact Hp]. simpl. by rewrite <- Permutation_middle.
Qed.

Lemma release_message_triple held s x : triple (calling (PMsg x :: held) s) (on_ipc (fun t => release_msg_queue_pin t x))
  (fun st r => calling held s st /\ r = Ok tt).
Proof.
  open_local. unfold on_ipc. cbn [fst snd].
  destruct (release_msg_pins (sysv w) x (msg_pins (filed s' ++ held ++ frame)) (sem_pins (filed s' ++ held ++ frame))) as (t & -> & Hp).
  { eapply ipc_pins_perm; [| |exact H6]; rewrite ?msg_pins_app, ?sem_pins_app; simpl; by rewrite <- ?Permutation_middle. }
  eexists _, _. split; [done|]. split; [|done]. split; [|done]. close_local.
Qed.

Lemma pin_semaphore_triple held s adm qid : triple (calling held s) (on_ipc (fun t => pin_sem_set t adm qid))
  (fun st r => calling (match r with Ok x => PSem x :: held | Err _ => held end) s st).
Proof.
  open_local. unfold on_ipc. cbn [fst snd].
  destruct (pin_sem_set (sysv w) adm qid) as [t r] eqn:Ep. pose proof (pin_sem_pins _ _ _ _ _ _ _ H6 Ep) as Hp. eexists _, r. split; [done|]. split; [|done].
  destruct r as [x|e]; [|by split]. close_local.
  eapply ipc_pins_perm; [done| |exact Hp]. simpl. by rewrite <- Permutation_middle.
Qed.

Lemma release_semaphore_triple held s x : triple (calling (PSem x :: held) s) (on_ipc (fun t => release_sem_set_pin t x))
  (fun st r => calling held s st /\ r = Ok tt).
Proof.
  open_local. unfold on_ipc. cbn [fst snd].
  destruct (release_sem_pins (sysv w) x (msg_pins (filed s' ++ held ++ frame)) (sem_pins (filed s' ++ held ++ frame))) as (t & -> & Hp).
  { eapply ipc_pins_perm; [| |exact H6]; rewrite ?msg_pins_app, ?sem_pins_app; simpl; by rewrite <- ?Permutation_middle. }
  eexists _, _. split; [done|]. split; [|done]. split; [|done]. close_local.
Qed.

(** *** Whole calls *)

(** Whatever it returns, a call ends with nothing held and does not panic. *)
Definition settles {A} (P : State -> Prop) (m : op State A) : Prop := triple P m (fun st _ => local_ok [] st).

Lemma triple_match {A B} (P : State -> Prop) (m : op State A) (k : A -> op State B) (h : Errno -> op State B) Q Q' :
  triple P m Q -> (forall a, triple (fun st => Q st (Ok a)) (k a) Q') -> (forall e, triple (fun st => Q st (Err e)) (h e) Q') ->
  triple P (op_match m k h) Q'.
Proof. intros Hm Hk Hh st Hst. unfold op_match. destruct (Hm st Hst) as (st' & [a|e] & -> & H); [by apply Hk|by apply Hh]. Qed.

Lemma triple_bind_ok {A B} (P Q : State -> Prop) (m : op State A) (k : A -> op State B) a Q' :
  triple P m (fun st r => Q st /\ r = Ok a) -> triple Q (k a) Q' -> triple P (op_bind m k) Q'.
Proof. intros Hm Hk st Hst. unfold op_bind. destruct (Hm st Hst) as (st' & r & -> & H & ->). by apply Hk. Qed.

Lemma outcome_triple {B} (P Q : State -> Prop) (m : op State unit) (k : result unit -> op State B) Q' :
  triple P m (fun st _ => Q st) -> (forall r, triple Q (k r) Q') -> triple P (outcome m k) Q'.
Proof. intros Hm Hk. eapply triple_match; [exact Hm|intros []|intros e]; apply Hk. Qed.

Lemma settles_return {A} s (r : result A) : settles (calling [] s) (op_lift r).
Proof. intros st [H _]. by eexists _, _. Qed.

Lemma settles_ret {A} s (a : A) : settles (calling [] s) (op_ret a).
Proof. intros st [H _]. by eexists _, _. Qed.

Lemma settles_err {A} s e : settles (A := A) (calling [] s) (op_err e).
Proof. intros st [H _]. by eexists _, _. Qed.

Lemma settles_pure {A B} (r : result A) (k : A -> op State B) s : (forall a, r = Ok a -> settles (calling [] s) (k a)) ->
  settles (calling [] s) (op_bind (op_lift r) k).
Proof. intros Hk st Hst. unfold op_bind, op_lift. destruct r as [a|e]; [by apply Hk|]. eexists _, _. split; [done|]. apply Hst. Qed.

Lemma release_and_fail_triple {B} s l released error : settles (A := B) (calling (map stable_pin l) s) (release_and_fail env l released error).
Proof.
  revert released. induction l as [|t l IH]; intros released; simpl.
  - eapply triple_bind_ok; [apply change_others_triple|]. destruct released; apply settles_err.
  - eapply outcome_triple; [apply release_reference_triple|]. intros r. apply IH.
Qed.

(** The registry with the prepared token files the target or refuses it. *)
Lemma file_triple s tid token o t (h : Errno -> op State Z) : fresh_token tid token s -> next_token s0 <= token ->
  (forall error, settles (calling (target_pins t) s) (h error)) ->
  settles (calling (target_pins t) s) (op_match (on_retries (insert_prepared token tid o t)) (fun _ => op_ret token) h).
Proof.
  intros Hf Hn0 Hh [[p s'] w] [H <-]. unfold op_match, on_retries. cbn [fst snd retries retry_tables] in *.
  destruct (insert_prepared_ok token tid o t s' (lo_reg _ _ H) Hf) as (s1 & [[]|e] & Ei & Hi); rewrite Ei.
  - destruct Hi as (Hs1 & Hall & Hn & _). eexists _, _. split; [done|]. destruct (lo_kept _ _ H) as [K1 K2]. cbn [fst retries] in K1, K2.
    eapply local_refile; [exact H|done| |].
    + split; [lia|]. intros b. rewrite Hall. intros [Hb|[<-|[]]]%in_app_iff Hlt; [by apply K2|]. simpl in Hlt. lia.
    + unfold filed, filed_by. rewrite Hall, flat_map_app. simpl. by rewrite !app_nil_r.
  - destruct Hi as [-> _]. by apply Hh.
Qed.

(** A call that starts with nothing held. *)
Lemma settles_calling {A} (m : op State A) : (forall s, settles (calling [] s) m) -> settles (local_ok []) m.
Proof. intros Hm st Hst. by apply (Hm (retries (fst st))). Qed.

Lemma registry_triple {A} s (f : BlockingRetryState F -> BlockingRetryState F * result A) :
  (forall s' r, registry_ok s -> f s = (s', r) -> registry_ok s' /\ kept s s' /\ filed s' = filed s) -> settles (calling [] s) (on_registry f).
Proof.
  intros Hf [[p s1] w] [H <-]. unfold on_registry, on_retries. cbn [fst snd retries retry_tables] in *. destruct (f s1) as [s' r] eqn:Ef.
  destruct (Hf s' r (lo_reg _ _ H) eq_refl) as (R1 & R2 & R3). eexists _, _. split; [done|]. by eapply local_same.
Qed.

Lemma prepare_triple s mem tid (k : Z -> op State Z) : has_binding_for_tid tid s = false ->
  (forall token s1, fresh_token tid token s1 -> next_token s0 <= token -> settles (calling [] s1) (k token)) ->
  settles (calling [] s) (op_bind (on_retries (prepare_insert size_of_binding mem)) k).
Proof.
  intros Hno Hk [[p s'] w] [H <-]. unfold op_bind, on_retries. cbn [fst snd retries retry_tables] in *.
  destruct (prepare_insert_ok size_of_binding mem tid s' (lo_reg _ _ H) Hno) as (s1 & r & -> & R1 & R2 & R3 & R4).
  assert (local_ok [] (mkRetryProc p s1, w)) as H' by (by eapply local_same).
  destruct r as [token|e]; [|by eexists _, _]. destruct (R4 token eq_refl) as [Hf ->].
  eapply (Hk _ s1); [done| |by split]. apply (lo_kept _ _ H).
Qed.

Lemma begin_binding_triple s mem tid o found k : (forall token, settles (calling [] s) (found token)) ->
  (forall token s1, fresh_token tid token s1 -> next_token s0 <= token -> settles (calling [] s1) (k token)) ->
  settles (calling [] s) (begin_binding size_of_binding mem tid o found k).
Proof.
  intros Hfound Hk st Hst. unfold begin_binding, op_bind at 1, op_get. destruct Hst as [H Hs]. rewrite Hs.
  destruct (token_for tid o s); [by apply Hfound|]. destruct (has_binding_for_tid tid s) eqn:Hno; [by eapply settles_err|].
  by eapply prepare_triple.
Qed.

Lemma stable_triple s fd (k : StableOfdTarget -> op State Z) held : (forall t, settles (calling held s) (k t)) ->
  (forall e, settles (A := Z) (calling held s) (op_err e)) -> settles (calling held s) (op_bind (stable_ofd_target fd) k).
Proof. intros Hk He st Hst. unfold op_bind, stable_ofd_target. destruct (let? _ := _ in _) as [t|e]; [by apply Hk|by eapply He]. Qed.

Lemma ofd_pair_settles s mem tid syscall fd1 fd2 : settles (calling [] s) (ensure_blocking_retry_ofd_pair_binding env size_of_binding mem tid syscall fd1 fd2).
Proof.
  apply settles_pure. intros o _. destruct (negb _); [apply settles_err|]. apply begin_binding_triple; [intros; apply settles_ret|]. intros token s1 Hf Hn.
  apply stable_triple; [|intros; apply settles_err]. intros input. apply stable_triple; [|intros; apply settles_err]. intros output.
  eapply triple_bind; [apply pin_target_triple| |intros st e [H _]; exact H]. intros [].
  eapply triple_match; [apply (pin_target_triple [stable_pin input])|intros []|intros e].
  - eapply triple_conseq; [apply (file_triple s1 tid token o (TOfdPair input output)); [done|done|]| |done].
    + intros error. apply (release_and_fail_triple s1 [input; output]).
    + intros st [H Hs]. split; [|done]. eapply local_perm; [|exact H]. simpl. constructor.
  - apply (release_and_fail_triple s1 [input]).
Qed.

Lemma mqueue_settles s mem tid syscall mqd : settles (calling [] s) (ensure_blocking_retry_mqueue_binding size_of_binding mem tid syscall mqd).
Proof.
  apply settles_pure. intros o _.
  assert (settles (calling [] s) (begin_binding size_of_binding (binding_memory mem) tid o op_ret (fun token =>
      if mqd <? 0 then op_err EBADF
      else
        do! pinned <- on_mqueues (fun t => pin_descriptor t (pin_admitted mem) mqd);
        op_match (on_retries (insert_prepared token tid o (TMqueue pinned)))
          (fun _ => op_ret token)
          (fun error => outcome (on_mqueues (fun t => release_pinned_descriptor t pinned)) (fun _ => op_err error))))) as Hmain.
  { apply begin_binding_triple; [intros; apply settles_ret|]. intros token s1 Hf Hn. destruct (mqd <? 0); [apply settles_err|].
    eapply triple_bind; [apply pin_mqueue_triple| |intros st e [H _]; exact H]. intros x. apply (file_triple s1 tid token o (TMqueue x)); [done..|].
    intros error. eapply outcome_triple; [|intros; apply settles_err].
    eapply triple_conseq; [apply release_mqueue_triple|done|]. intros st r [H _]. exact H. }
  destruct o; first [exact Hmain|apply settles_err].
Qed.

Lemma message_settles s mem tid syscall qid m : settles (calling [] s) (ensure_blocking_retry_sysv_message_binding size_of_binding mem tid syscall qid m).
Proof.
  apply settles_pure. intros o _. unfold ensure_blocking_retry_sysv_message_binding.
  assert (settles (calling [] s) (begin_binding size_of_binding (binding_memory mem) tid o
      (fun token => match m with
         | Some m => do! _ <- on_registry (retain_sysv_message token m); op_ret token
         | None => op_ret token
         end)
      (fun token =>
         do! pinned <- on_ipc (fun t => pin_msg_queue t (pin_admitted mem) qid);
         op_match (on_retries (insert_prepared token tid o (TSysvMessage pinned m)))
           (fun _ => op_ret token)
           (fun error => outcome (on_ipc (fun t => release_msg_queue_pin t pinned)) (fun _ => op_err error))))) as Hmain.
  { apply begin_binding_triple.
    - intros token. destruct m as [m|]; [|apply settles_ret]. eapply triple_bind; [apply registry_triple|intros a st Hst; by eexists _, _|done].
      intros s' r Hs. by apply retain_sysv_message_ok.
    - intros token s1 Hf Hn. eapply triple_bind; [apply pin_message_triple| |intros st e [H _]; exact H]. intros x.
      apply (file_triple s1 tid token o (TSysvMessage x m)); [done..|]. intros error. eapply outcome_triple; [|intros; apply settles_err].
      eapply triple_conseq; [apply release_message_triple|done|]. intros st r [H _]. exact H. }
  destruct o; first [exact Hmain|apply settles_err].
Qed.

Lemma semaphore_settles s mem tid syscall semid : settles (calling [] s) (ensure_blocking_retry_sysv_semaphore_binding size_of_binding mem tid syscall semid).
Proof.
  apply settles_pure. intros o _. destruct (negb _); [apply settles_err|]. apply begin_binding_triple; [intros; apply settles_ret|]. intros token s1 Hf Hn.
  eapply triple_bind; [apply pin_semaphore_triple| |intros st e [H _]; exact H]. intros x.
  apply (file_triple s1 tid token o (TSysvSemaphore x)); [done..|]. intros error. eapply outcome_triple; [|intros; apply settles_err].
  eapply triple_conseq; [apply release_semaphore_triple|done|]. intros st r [H _]. exact H.
Qed.

Lemma vector_settles s mem tid syscall fd v : settles (calling [] s) (ensure_blocking_retry_vector_binding env size_of_binding mem tid syscall fd v).
Proof.
  apply settles_pure. intros o _. destruct (negb _); [apply settles_err|]. apply begin_binding_triple.
  - intros token. apply registry_triple. intros s' r Hs. destruct (binding_for_token token s) as [b|] eqn:Eb; [|intros [= <- <-]; by split_and!].
    destruct (b_target b) as [| | | | | |carrier old] eqn:Et; try (intros [= <- <-]; by split_and!).
    destruct (negb _); intros [= <- <-]; [by split_and!|]. eapply update_binding_ok; [done|done|]. by rewrite Et.
  - intros token s1 Hf Hn. apply stable_triple; [|intros; apply settles_err]. intros carrier.
    eapply triple_bind; [apply pin_target_triple| |intros st e [H _]; exact H]. intros [].
    apply (file_triple s1 tid token o (TVector carrier (Some v))); [done..|]. intros error. apply (release_and_fail_triple s1 [carrier]).
Qed.

Lemma drop_then_settles {A} s ancillary (m : op State A) held : settles (calling held s) m -> settles (calling held s) (op_bind (drop_option env ancillary) (fun _ => m)).
Proof. intros Hm. eapply triple_bind_ok; [apply drop_option_triple|exact Hm]. Qed.

Lemma dropping_triple {A} (P : State -> Prop) ancillary (m : op State A) (k : A -> op State Z) Q :
  triple P m Q -> (forall a, settles (fun st => Q st (Ok a)) (k a)) -> (forall st e, Q st (Err e) -> local_ok [] st) ->
  settles P (op_bind (dropping env ancillary m) k).
Proof.
  intros Hm Hk He st Hst. unfold op_bind, dropping, op_match. destruct (Hm st Hst) as (st' & [a|e] & -> & H).
  - unfold op_ret. by apply Hk.
  - assert (settles (A := Z) (local_ok []) (op_bind (drop_option env ancillary) (fun _ => op_err e))) as Hd.
    { apply settles_calling. intros s. apply drop_then_settles, settles_err. }
    destruct (Hd st' (He _ _ H)) as (st2 & r & Hrun & H2). revert Hrun. unfold op_bind. destruct (drop_option env ancillary st') as [[st3 [[]|e']]|]; [| |done].
    + intros [= <- <-]. by eexists _, _.
    + intros [= <- <-]. by eexists _, _.
Qed.

Lemma retain_option_triple held s ancillary k h : (forall a, settles (calling held s) (k a)) -> (forall a e, settles (calling held s) (h a e)) ->
  settles (calling held s) (retain_option env ancillary k h).
Proof.
  intros Hk Hh. destruct ancillary as [batch|]; [|apply Hk]. intros st [H Hs]. unfold retain_option.
  destruct (retain_batch env batch (others (snd st))) as [[e batch'] r].
  assert (calling held s (fst st, mkRetryWorld (cells (snd st)) (mqueues (snd st)) (sysv (snd st)) e)) as H'.
  { split; [|done]. destruct H. by split. }
  destruct r; [by apply Hk|by apply Hh].
Qed.

Lemma ofd_settles s mem tid syscall fd ancillary : settles (calling [] s) (ensure_blocking_retry_ofd_binding env size_of_binding mem tid syscall fd ancillary).
Proof.
  eapply (dropping_triple _ ancillary (op_lift _) _ (fun st _ => calling [] s st)); [intros st H; by eexists _, _| |by intros st e []]. intros o.
  destruct (negb _); [apply drop_then_settles, settles_err|]. intros st Hst. unfold op_bind at 1, op_get. pose proof Hst as [H Hs]. rewrite Hs.
  destruct (token_for tid o s); [by eapply drop_then_settles; [apply settles_ret|]|].
  destruct (has_binding_for_tid tid s) eqn:Hno; [by eapply drop_then_settles; [apply settles_err|]|].
  clear H Hs. revert st Hst.
  eapply (dropping_triple _ ancillary _ _ (fun st r => match r with
    | Ok token => fresh_token tid token (retries (fst st)) /\ next_token s0 <= token /\ local_ok [] st | Err _ => local_ok [] st end)); [| |done].
  { intros [[p s'] w] [H <-]. unfold on_retries. cbn [fst snd retries retry_tables] in *.
    destruct (prepare_insert_ok size_of_binding (binding_memory mem) tid s' (lo_reg _ _ H) Hno) as (s1 & r & -> & R1 & R2 & R3 & R4).
    assert (local_ok [] (mkRetryProc p s1, w)) as H' by (by eapply local_same). eexists _, r. split; [done|].
    destruct r as [token|err]; [|done]. destruct (R4 token eq_refl) as [Hf ->]. split_and!; [done|apply (lo_kept _ _ H)|done]. }
  intros token st (Hf & Hn & Hst). revert st Hf Hst. enough (forall s1, fresh_token tid token s1 -> settles (calling [] s1) (
    do! target <- dropping env ancillary (stable_ofd_target fd);
    do! _ <- dropping env ancillary (pin_target target);
    retain_option env ancillary
            (fun ancillary =>
               let filed := match ancillary with Some batch => TSendmsg target batch | None => TOfd target end in
               op_match (on_retries (insert_prepared token tid o filed))
                 (fun _ => op_ret token)
                 (fun error => do! _ <- drop_option env ancillary; release_and_fail env [target] (Ok tt) error))
            (fun ancillary error => do! _ <- drop_option env ancillary; release_and_fail env [target] (Ok tt) error))) as Hmain.
  { intros st Hf Hst. by apply (Hmain (retries (fst st))). }
  intros s1 Hf. eapply (dropping_triple _ ancillary _ _ (fun st _ => calling [] s1 st)); [intros st H; by eexists _, _| |by intros st ? []]. intros target.
  eapply (dropping_triple _ ancillary); [apply pin_target_triple| |by intros st ? []]. intros [].
  apply retain_option_triple.
  - intros [batch|]; [apply (file_triple s1 tid token o (TSendmsg target batch))|apply (file_triple s1 tid token o (TOfd target))]; try done;
      intros error; apply drop_then_settles, (release_and_fail_triple s1 [target]).
  - intros a err. apply drop_then_settles, (release_and_fail_triple s1 [target]).
Qed.

(** *** Releases *)

Lemma drained_triple held s (r : result unit) : triple (calling held s) (op_bind (change_others (drain_releases env)) (fun _ => op_lift r)) (fun st _ => calling held s st).
Proof. eapply triple_bind_ok; [apply change_others_triple|]. intros st H. by eexists _, _. Qed.

Lemma release_target_triple held s t : triple (calling (target_pins t ++ held) s) (release_blocking_retry_target env t) (fun st _ => calling held s st).
Proof.
  destruct t as [t|input output|c anc|x|x m|x|c v]; simpl.
  - eapply outcome_triple; [apply release_reference_triple|intros; apply drained_triple].
  - eapply outcome_triple; [apply (release_reference_triple (stable_pin output :: held))|intros].
    eapply outcome_triple; [apply release_reference_triple|intros; apply drained_triple].
  - eapply triple_bind_ok; [apply change_others_triple|]. eapply outcome_triple; [apply release_reference_triple|intros; apply drained_triple].
  - eapply triple_conseq; [apply release_mqueue_triple|done|]. by intros st r [? _].
  - eapply triple_conseq; [apply release_message_triple|done|]. by intros st r [? _].
  - eapply triple_conseq; [apply release_semaphore_triple|done|]. by intros st r [? _].
  - eapply outcome_triple; [apply release_reference_triple|intros; apply drained_triple].
Qed.

Lemma taken_settles s s' (t : BlockingRetryTarget F) p w : calling [] s (mkRetryProc p s, w) -> registry_ok s' -> kept s s' -> filed s ≡ₚ target_pins t ++ filed s' ->
  calling (target_pins t ++ []) s' (mkRetryProc p s', w).
Proof.
  intros [H _] Hs' Hk HP. split; [|done]. eapply local_refile; [exact H|done|etransitivity; [apply H|done]|].
  rewrite !app_nil_r, HP. by rewrite Permutation_app_comm.
Qed.

Lemma release_binding_settles s tid token : settles (calling [] s) (release_blocking_retry_binding env tid token).
Proof.
  intros [[p s'] w] [H <-]. unfold release_blocking_retry_binding, op_bind, on_registry, on_retries. cbn [fst snd retries retry_tables] in *.
  destruct (take_exact tid token s') as [s1 r] eqn:Et. destruct (take_exact_ok _ _ _ _ _ (lo_reg _ _ H) Et) as (R1 & R2 & R3).
  destruct r as [b|e]; [|subst s1; by eexists _, _]. destruct R3 as (_ & _ & _ & HP).
  destruct (release_target_triple [] s1 (b_target b) (mkRetryProc p s1, w)) as (st & r & -> & H2 & _); [|by eexists _, _].
  by eapply taken_settles.
Qed.

Lemma release_tid_settles s tid : settles (calling [] s) (release_blocking_retry_bindings_for_tid env tid).
Proof.
  intros [[p s'] w] [H <-]. unfold release_blocking_retry_bindings_for_tid. cbn [fst snd retries retry_tables] in *.
  destruct (take_for_tid tid s') as [s1 r] eqn:Et. destruct (take_for_tid_ok _ _ _ _ (lo_reg _ _ H) Et) as (R1 & R2 & R3).
  destruct r as [b|]; [|eexists _, _; split; [done|]; by eapply local_same]. destruct R3 as [_ HP].
  destruct (release_target_triple [] s1 (b_target b) (mkRetryProc p s1, w)) as (st & r & -> & H2 & _); [|by eexists _, _].
  by eapply taken_settles.
Qed.

Lemma release_targets_triple s l first : settles (calling (filed_by l) s) (release_targets env l first).
Proof.
  revert first. induction l as [|b l IH]; intros first; simpl; [apply settles_return|].
  eapply outcome_triple; [apply release_target_triple|intros; apply IH].
Qed.

Lemma release_all_settles s : settles (calling [] s) (release_all_blocking_retry_bindings env).
Proof.
  intros [[p s'] w] [H <-]. unfold release_all_blocking_retry_bindings. cbn [fst snd retries retry_tables] in *. unfold take_all. cbn beta iota zeta.
  destruct (take_all_ok s' (lo_reg _ _ H)) as (R1 & R2 & R3). unfold take_all in *. cbn [fst] in *.
  eapply release_targets_triple. split; [|done]. eapply local_refile; [exact H|done|etransitivity; [apply H|done]|].
  rewrite R3, app_nil_r. done.
Qed.

Lemma take_vector_settles s tid o : settles (calling [] s) (take_active_vector_io tid o).
Proof.
  apply registry_triple. intros s' r Hs. destruct (active_binding tid o s) as [[b|]|] eqn:Ea; [|intros [= <- <-]; by split_and!..].
  assert (binding_for_token (b_token b) s = Some b) as Hb.
  { revert Ea. unfold active_binding. destruct (active s) as [[[x y] z]|]; [|done]. destruct (_ || _); [done|].
    destruct (binding_for_token y s) as [b'|] eqn:Eb; [|done]. intros [= ->]. by pose proof (binding_for_token_Some _ _ _ Eb) as [_ <-]. }
  destruct (b_target b) eqn:Et; intros [= <- <-]; try by split_and!. eapply update_binding_ok; [done|done|]. by rewrite Et.
Qed.

Lemma clone_settles s tid : settles (calling [] s) (clone_active_sendmsg_ancillary env tid).
Proof.
  intros st Hst. unfold clone_active_sendmsg_ancillary. assert (local_ok [] st) as H by apply Hst.
  destruct (active_binding tid OpSendmsg (retries (fst st))) as [[b|]|]; [|by eexists _, _..]. destruct (b_target b); try by eexists _, _.
  unfold op_bind. destruct (others_triple [] s (clone_batch env ancillary) st Hst) as (st' & [l|e'] & -> & H'); by eexists _, _; split; [|apply H'].
Qed.
End Local.

(** The pins of a process that is removed, on the tables that outlive it. *)
Lemma discard_spec {F E} (env : RetryEnv F E) frame l : forall (p : RetryProc F) (w : RetryWorld E),
  Mqueue.wf (mqueues w) -> map_to_list (Mqueue.pins (mqueues w)) ≡ₚ mq_pins (filed_by l ++ frame) ->
  ipc_pins_ok (sysv w) (msg_pins (filed_by l ++ frame)) (sem_pins (filed_by l ++ frame)) ->
  exists w', discard_targets env l (p, w) = Some ((p, w'), Ok tt) /\ cells w' = cells w /\ Mqueue.wf (mqueues w')
    /\ map_to_list (Mqueue.pins (mqueues w')) ≡ₚ mq_pins frame /\ ipc_pins_ok (sysv w') (msg_pins frame) (sem_pins frame).
Proof.
  induction l as [|b l IH]; intros p w Hwf Hq Hi; simpl; [by exists w|].
  unfold op_bind. simpl in Hq, Hi. destruct (b_target b) as [t|input output|c anc|x|x m|x|c v]; simpl in Hq, Hi |- *.
  - by apply IH.
  - by apply IH.
  - exact (IH p (mkRetryWorld (cells w) (mqueues w) (sysv w) _) Hwf Hq Hi).
  - unfold outcome, op_match, on_mqueues. cbn [fst snd]. destruct (mq_release_spec (mqueues w) x _ Hwf Hq) as (t & -> & Hwf' & Hq').
    exact (IH p (mkRetryWorld (cells w) t (sysv w) (others w)) Hwf' Hq' Hi).
  - unfold outcome, op_match, on_ipc. cbn [fst snd]. destruct (release_msg_pins (sysv w) x _ _ Hi) as (t & -> & Hi').
    exact (IH p (mkRetryWorld (cells w) (mqueues w) t (others w)) Hwf Hq Hi').
  - unfold outcome, op_match, on_ipc. cbn [fst snd]. destruct (release_sem_pins (sysv w) x _ _ Hi) as (t & -> & Hi').
    exact (IH p (mkRetryWorld (cells w) (mqueues w) t (others w)) Hwf Hq Hi').
  - by apply IH.
Qed.
