(* ===== verification/RetryThms.v ===== *)
(** * Stable targets of blocked calls: theorems

    The processes of the descriptor machine, the message queues and the System
    V objects with the calls that are blocked on them: an attempt of a blocked
    call reaches the object its first attempt selected, whatever happened to
    the number in between, and every pin has one blocked call that gives it
    back. *)

From S2P Require Import Prelude Mqueue Ipc Lock WaitQueue ProcSignal WaitPark Fd OfdRefs Ofd OfdInv Descriptors DescInv DescThms IoBuffer BlockedRetry RetryPins RetryInv.

(** ** The kernel *)

Section Kernel.
Context {F E : Type} (env : RetryEnv F E) (size_of_binding : Z) (z : Sizes).

(** A process: its tables, its blocked calls, its descriptors in progress. *)
Record KProc : Type := mkKProc { kp_tables : Proc; kp_retries : BlockingRetryState F; kp_outstanding : list PreparedDescriptor }.
Record Kernel : Type := mkKernel { k_world : RetryWorld E; k_procs : gmap Z KProc }.

(** Seen as the machine of DescThms.v, a process pins what its blocked calls
    hold. *)
Definition member_of (p : KProc) : Member := mkMember (kp_tables p) (ofd_pins (filed (kp_retries p))) (kp_outstanding p).
Definition machine_of (k : Kernel) : Machine := mkMachine (cells (k_world k)) (member_of <$> k_procs k).

Definition state_of (k : Kernel) (p : KProc) : RetryProc F * RetryWorld E := (mkRetryProc (kp_tables p) (kp_retries p), k_world k).
Definition store (k : Kernel) (pid : Z) (p : KProc) (st : RetryProc F * RetryWorld E) : Kernel :=
  mkKernel (snd st) (<[pid := mkKProc (retry_tables (fst st)) (retries (fst st)) (kp_outstanding p)]> (k_procs k)).

(** The calls of BlockedRetry.v. *)
Inductive RetryCall : Type :=
  | REnsureOfd (mem : RetryMemory) (tid syscall fd : Z) (ancillary : option (list F))
  | REnsurePair (mem : RetryMemory) (tid syscall input output : Z)
  | REnsureMqueue (mem : RetryMemory) (tid syscall mqd : Z)
  | REnsureMessage (mem : RetryMemory) (tid syscall qid : Z) (m : option PendingSysvMessage)
  | REnsureSemaphore (mem : RetryMemory) (tid syscall semid : Z)
  | REnsureVector (mem : RetryMemory) (tid syscall fd : Z) (v : PendingVectorIo)
  | RReleaseBinding (tid token : Z) | RReleaseTid (tid : Z) | RReleaseAll
  | RTakeVector (tid : Z) (o : BlockingRetryOperation) | RCloneAncillary (tid : Z)
  | RActivate (tid token : Z) (o : BlockingRetryOperation) | RActivateDirect (tid token : Z) (o : BlockingRetryOperation) | RClearActive
  | RBeginDispatch (tid : Z) | REnterDispatch (tid : Z) | RClearDispatch | RBindTask (tid : Z) | RClearBoundTask (tid : Z)
  | RStartDispatch (tid syscall token : Z).

Definition void {S A} (m : op S A) : op S unit := do! _ <- m; op_ret tt.
Definition quietly (f : BlockingRetryState F -> BlockingRetryState F) : op (RetryProc F * RetryWorld E) unit := on_registry (fun s => (f s, Ok tt)).

Definition run_retry (c : RetryCall) : op (RetryProc F * RetryWorld E) unit :=
  match c with
  | REnsureOfd mem tid syscall fd anc => void (ensure_blocking_retry_ofd_binding env size_of_binding mem tid syscall fd anc)
  | REnsurePair mem tid syscall i o => void (ensure_blocking_retry_ofd_pair_binding env size_of_binding mem tid syscall i o)
  | REnsureMqueue mem tid syscall mqd => void (ensure_blocking_retry_mqueue_binding size_of_binding mem tid syscall mqd)
  | REnsureMessage mem tid syscall qid m => void (ensure_blocking_retry_sysv_message_binding size_of_binding mem tid syscall qid m)
  | REnsureSemaphore mem tid syscall semid => void (ensure_blocking_retry_sysv_semaphore_binding size_of_binding mem tid syscall semid)
  | REnsureVector mem tid syscall fd v => void (ensure_blocking_retry_vector_binding env size_of_binding mem tid syscall fd v)
  | RReleaseBinding tid token => release_blocking_retry_binding env tid token
  | RReleaseTid tid => release_blocking_retry_bindings_for_tid env tid
  | RReleaseAll => release_all_blocking_retry_bindings env
  | RTakeVector tid o => void (take_active_vector_io tid o)
  | RCloneAncillary tid => void (clone_active_sendmsg_ancillary env tid)
  | RActivate tid token o => on_registry (activate tid token o)
  | RActivateDirect tid token o => void (on_registry (activate_direct tid token o))
  | RClearActive => quietly clear_active
  | RBeginDispatch tid => on_registry (begin_dispatch tid)
  | REnterDispatch tid => void (on_registry (enter_dispatch tid))
  | RClearDispatch => quietly clear_dispatch
  | RBindTask tid => quietly (bind_task tid)
  | RClearBoundTask tid => quietly (clear_bound_task tid)
  | RStartDispatch tid syscall token => on_registry (activate_blocking_retry_for_current_task tid syscall token)
  end.

(** One operation: of the descriptors, of the queues and objects, of a blocked
    call, of the components behind, or the removal of a process. *)
Inductive kernel_step : Kernel -> Kernel -> Prop :=
  | kernel_descriptors k ps w : let k' := mkKernel (mkRetryWorld w (mqueues (k_world k)) (sysv (k_world k)) (others (k_world k))) ps in
      machine_step z (machine_of k) (machine_of k') ->
      (forall pid p, k_procs k !! pid = Some p -> exists p', ps !! pid = Some p' /\ kp_retries p' = kp_retries p) ->
      (forall pid p', ps !! pid = Some p' -> k_procs k !! pid = None -> kp_retries p' = no_retries) ->
      kernel_step k k'
  | kernel_mqueues k c : Mqueue.call_ok c -> mq_plain c ->
      kernel_step k (mkKernel (mkRetryWorld (cells (k_world k)) (Mqueue.run_call (mqueues (k_world k)) c) (sysv (k_world k)) (others (k_world k))) (k_procs k))
  | kernel_sysv k c : Ipc.call_ok c -> ipc_plain c ->
      kernel_step k (mkKernel (mkRetryWorld (cells (k_world k)) (mqueues (k_world k)) (Ipc.run_call (sysv (k_world k)) c) (others (k_world k))) (k_procs k))
  | kernel_others k e : kernel_step k (mkKernel (mkRetryWorld (cells (k_world k)) (mqueues (k_world k)) (sysv (k_world k)) e) (k_procs k))
  | kernel_retry k pid p c st r : k_procs k !! pid = Some p -> run_retry c (state_of k p) = Some (st, r) -> kernel_step k (store k pid p st)
  | kernel_exit k pid p p' w r : k_procs k !! pid = Some p -> kp_outstanding p = [] ->
      discard_blocking_retry_bindings_for_process_removal env (state_of k p) = Some ((p', w), r) ->
      kernel_step k (mkKernel (mkRetryWorld (drop_slots (slots_of (ofd_table (retry_tables p'))) (cells w)) (mqueues w) (sysv w) (others w)) (delete pid (k_procs k))).

Definition initial_kernel (e : E) : Kernel := mkKernel (mkRetryWorld initial_world Mqueue.new Ipc.new e) ∅.

(** ** The invariant *)

(** The pins of all blocked calls. *)
Definition pin_map (ps : gmap Z KProc) : gmap Z (list RetryPin) := (fun p => filed (kp_retries p)) <$> ps.
Definition pins_in (m : gmap Z (list RetryPin)) : list RetryPin := concat (map snd (map_to_list m)).
Definition all_pins (ps : gmap Z KProc) : list RetryPin := pins_in (pin_map ps).

Record kernel_ok (k : Kernel) : Prop := {
  ko_machine : machine_ok (machine_of k);
  ko_registry : forall pid p, k_procs k !! pid = Some p -> registry_ok (kp_retries p);
  ko_wf : Mqueue.wf (mqueues (k_world k));
  ko_mq : map_to_list (Mqueue.pins (mqueues (k_world k))) ≡ₚ mq_pins (all_pins (k_procs k));
  ko_ipc : ipc_pins_ok (sysv (k_world k)) (msg_pins (all_pins (k_procs k))) (sem_pins (all_pins (k_procs k))) }.

Lemma pins_in_insert m i l : m !! i = None -> pins_in (<[i := l]> m) ≡ₚ l ++ pins_in m.
Proof. intros H. unfold pins_in. by rewrite map_to_list_insert. Qed.

Lemma pins_in_delete m i l : m !! i = Some l -> pins_in m ≡ₚ l ++ pins_in (delete i m).
Proof. intros H. rewrite <- pins_in_insert by apply lookup_delete_eq. by rewrite insert_delete_eq, insert_id. Qed.

Lemma all_pins_delete ps pid p : ps !! pid = Some p -> all_pins ps ≡ₚ filed (kp_retries p) ++ all_pins (delete pid ps).
Proof.
  intros H. unfold all_pins, pin_map. rewrite fmap_delete. apply pins_in_delete. by rewrite lookup_fmap, H.
Qed.

Lemma all_pins_update ps pid p : all_pins (<[pid := p]> ps) ≡ₚ filed (kp_retries p) ++ all_pins (delete pid ps).
Proof.
  unfold all_pins, pin_map. rewrite fmap_insert, fmap_delete, <- insert_delete_eq. apply pins_in_insert, lookup_delete_eq.
Qed.

(** Processes without pins do not count. *)
Lemma pins_in_ext (m m' : gmap Z (list RetryPin)) : (forall i, default [] (m !! i) = default [] (m' !! i)) -> pins_in m ≡ₚ pins_in m'.
Proof.
  revert m. induction m' as [|i l m' Hi IH] using map_ind; intros m Hm.
  - revert Hm. induction m as [|j x m Hj IH] using map_ind; intros Hm; [done|]. rewrite pins_in_insert by done.
    pose proof (Hm j) as Hx. rewrite lookup_insert_eq, lookup_empty in Hx. simpl in Hx. subst x. apply IH. intros i. specialize (Hm i).
    rewrite lookup_insert in Hm. case_decide as Ei; [|done]. subst i. by rewrite Hj.
  - rewrite pins_in_insert by done. destruct (m !! i) as [x|] eqn:Ex.
    + rewrite (pins_in_delete _ _ _ Ex). pose proof (Hm i) as Hx. rewrite lookup_insert_eq, Ex in Hx. simpl in Hx. subst x. f_equiv.
      apply IH. intros j. rewrite lookup_delete. case_decide as Ej; [subst j; by rewrite Hi|]. rewrite (Hm j). by rewrite lookup_insert_ne.
    + pose proof (Hm i) as Hx. rewrite lookup_insert_eq, Ex in Hx. simpl in Hx. subst l. apply IH. intros j. rewrite (Hm j), lookup_insert.
      case_decide as Ej; [subst j|done]. by rewrite Hi.
Qed.

(** ** One call of one process *)

Section OneCall.
Context (k : Kernel) (pid : Z) (p : KProc) (Hk : kernel_ok k) (Hp : k_procs k !! pid = Some p).
Let R := procs_keys (delete pid (procs (machine_of k))).
Let frame := all_pins (delete pid (k_procs k)).

Abbreviation started := (local_ok pid R (member_of p) (cells (k_world k)) (kp_retries p) frame []).

Lemma member_here : procs (machine_of k) !! pid = Some (member_of p).
Proof. simpl. by rewrite lookup_fmap, Hp. Qed.

Lemma call_starts : started (state_of k p).
Proof.
  destruct (machine_member _ _ _ (ko_machine _ Hk) member_here) as [Hm Hc]. pose proof (all_pins_delete _ _ _ Hp) as HP.
  split; cbn [fst snd state_of retry_tables retries]; rewrite ?app_nil_r; simpl app.
  - by apply evolves_refl.
  - by eapply ko_registry.
  - done.
  - apply Hk.
  - rewrite (ko_mq _ Hk). by rewrite HP.
  - eapply ipc_pins_perm; [| |apply (ko_ipc _ Hk)]; by rewrite HP.
Qed.

Lemma call_ends st : started st -> kernel_ok (store k pid p st) /\ kept (kp_retries p) (retries (fst st)).
Proof.
  intros [H1 H2 H3 H4 H5 H6]. split; [|done]. simpl app in *. split; cbn [store k_world k_procs].
  - unfold machine_of. cbn [store k_world k_procs]. rewrite fmap_insert. unfold member_of at 1. cbn [kp_tables kp_retries kp_outstanding].
    rewrite app_nil_r in H1. by apply (evolves_machine (machine_of k) pid (member_of p)); [apply Hk|apply member_here|].
  - intros pid' p'. rewrite lookup_insert. case_decide; [intros [= <-]; done|by apply Hk].
  - done.
  - rewrite H5. by rewrite all_pins_update.
  - eapply ipc_pins_perm; [| |exact H6]; by rewrite all_pins_update.
Qed.

Lemma void_settles {A} P (m : op (RetryProc F * RetryWorld E) A) : triple P m (fun st _ => started st) -> triple P (void m) (fun st _ => started st).
Proof. intros Hm st Hst. unfold void, op_bind. destruct (Hm st Hst) as (st' & [a|e] & -> & H); by eexists _, _. Qed.

Lemma quietly_settles (f : BlockingRetryState F -> BlockingRetryState F) s :
  (registry_ok s -> registry_ok (f s) /\ kept s (f s) /\ filed (f s) = filed s) ->
  triple (calling pid R (member_of p) (cells (k_world k)) (kp_retries p) frame [] s) (quietly f) (fun st _ => started st).
Proof. intros Hf. apply registry_triple. intros s' r Hs [= <- <-]. by apply Hf. Qed.

Lemma run_retry_settles c : triple started (run_retry c) (fun st _ => started st).
Proof.
  intros st Hst. assert (calling pid R (member_of p) (cells (k_world k)) (kp_retries p) frame [] (retries (fst st)) st) as Hc by done.
  revert Hc. generalize (retries (fst st)). intros s. revert st Hst. enough (triple (calling pid R (member_of p) (cells (k_world k)) (kp_retries p) frame [] s) (run_retry c) (fun st _ => started st)) as H.
  { intros st _ Hc. by apply H. }
  destruct c; cbn [run_retry]; try apply void_settles.
  - apply ofd_settles.
  - apply ofd_pair_settles.
  - apply mqueue_settles.
  - apply message_settles.
  - apply semaphore_settles.
  - apply vector_settles.
  - apply release_binding_settles.
  - apply release_tid_settles.
  - apply release_all_settles.
  - apply take_vector_settles.
  - apply clone_settles.
  - apply registry_triple. intros s' r Hs Ha. by destruct (activate_ok _ _ _ _ _ _ Hs Ha) as (? & ? & ? & _).
  - apply registry_triple. intros s' r Hs. unfold activate_direct. destruct (_ =? 0); [intros [= <- <-]; by split_and!|].
    destruct (_ <? 0); [intros [= <- <-]; by split_and!|]. destruct (activate tid token o s) as [s1 r1] eqn:Ea.
    destruct (activate_ok _ _ _ _ _ _ Hs Ea) as (? & ? & ? & _). destruct r1; intros [= <- <-]; by split_and!.
  - apply quietly_settles, clear_active_ok.
  - apply registry_triple. intros s' r Hs. unfold begin_dispatch. destruct (dispatch_tid s); intros [= <- <-]; [by split_and!|by apply dispatch_ok].
  - apply registry_triple. intros s' r Hs. unfold enter_dispatch. destruct (dispatch_tid s); intros [= <- <-]; [by split_and!|by apply dispatch_ok].
  - apply quietly_settles, dispatch_ok.
  - apply quietly_settles. intros Hs. apply registry_same; [done|done|apply Hs|done|apply Hs].
  - apply quietly_settles. intros Hs. unfold clear_bound_task. case_bool_decide; [|by split_and!]. apply registry_same; [done|done|apply Hs|done|apply Hs].
  - apply registry_triple. intros s' r Hs. unfold activate_blocking_retry_for_current_task, begin_dispatch.
    destruct (dispatch_tid s); [intros [= <- <-]; by split_and!|]. destruct (dispatch_ok (Some tid) s Hs) as (D1 & D2 & D3).
    set (s1 := with_dispatch s (Some tid)) in *.
    assert (forall s2 (a : result unit), registry_ok s2 /\ kept s s2 /\ filed s2 = filed s -> (match a with Err _ => clear_dispatch s2 | Ok _ => s2 end, a) = (s', r) ->
      registry_ok s' /\ kept s s' /\ filed s' = filed s) as Hend.
    { intros s2 a (Q1 & Q2 & Q3) [= <- <-]. destruct a; [by split_and!|]. destruct (dispatch_ok None s2 Q1) as (? & ? & E3).
      split_and!; [done|by etransitivity|]. unfold clear_dispatch. by rewrite E3. }
    destruct (_ =? 0); [by apply Hend|]. destruct (_ <? 0); [by apply (Hend s1 (Err EINVAL))|].
    destruct (from_syscall syscall) as [o|e]; [|by apply (Hend s1 (Err e))]. destruct (activate tid token o s1) as [s2 a] eqn:Ea.
    destruct (activate_ok _ _ _ _ _ _ D1 Ea) as (? & ? & E3 & _). apply Hend. split_and!; [done|by etransitivity|by rewrite E3].
Qed.
End OneCall.

(** ** Every step *)

(** The blocked calls of a process that stays are the same or evolve by its
    own call. *)
Definition progress (k k' : Kernel) : Prop := forall pid p p', k_procs k !! pid = Some p -> k_procs k' !! pid = Some p' -> kept (kp_retries p) (kp_retries p').

Lemma progress_same k w : progress k (mkKernel w (k_procs k)).
Proof. intros pid p p' H1 H2. simpl in H2. by simplify_eq. Qed.

Lemma exit_step_ok k pid p p' w r : kernel_ok k -> k_procs k !! pid = Some p -> kp_outstanding p = [] ->
  discard_blocking_retry_bindings_for_process_removal env (state_of k p) = Some ((p', w), r) ->
  kernel_ok (mkKernel (mkRetryWorld (drop_slots (slots_of (ofd_table (retry_tables p'))) (cells w)) (mqueues w) (sysv w) (others w)) (delete pid (k_procs k))).
Proof.
  intros Hk Hp Hout. pose proof (all_pins_delete _ _ _ Hp) as HP. unfold discard_blocking_retry_bindings_for_process_removal. cbn [fst snd state_of retries retry_tables]. unfold take_all. cbn beta iota zeta.
  set (q := mkRetryProc _ _). edestruct (discard_spec env (all_pins (delete pid (k_procs k))) (all_bindings (kp_retries p)) q (k_world k)) as (w' & -> & Hc & Hwf & Hq & Hi).
  - apply Hk.
  - rewrite (ko_mq _ Hk). by rewrite HP.
  - eapply ipc_pins_perm; [| |apply (ko_ipc _ Hk)]; by rewrite HP.
  - intros [= <- <- _]. split; cbn [k_world k_procs cells mqueues sysv]; try done.
    + unfold machine_of. cbn [k_world k_procs cells]. rewrite fmap_delete, Hc.
      by apply (exit_ok (machine_of k) pid (member_of p)); [apply Hk|apply member_here|].
    + intros pid' x [_ Hx]%lookup_delete_Some. by eapply ko_registry.
Qed.

Lemma kernel_step_ok k k' : kernel_step k k' -> kernel_ok k -> kernel_ok k' /\ progress k k'.
Proof.
  intros Hstep Hk. destruct Hstep as [k ps w k' Hm Hold Hnew|k c Hc Hpl|k c Hc Hpl|k e|k pid p c st r Hp Hrun|k pid p p' w r Hp Hout Hrun].
  - split; [|intros pid p p' H1 H2; destruct (Hold _ _ H1) as (x & Hx & E1); simpl in H2; simplify_eq; by rewrite E1].
    assert (all_pins ps ≡ₚ all_pins (k_procs k)) as HP.
    { apply pins_in_ext. intros pid. unfold pin_map. rewrite !lookup_fmap. destruct (k_procs k !! pid) as [p|] eqn:Ep.
      - destruct (Hold _ _ Ep) as (p' & -> & E1). simpl. by rewrite E1.
      - destruct (ps !! pid) as [p'|] eqn:Ep'; [|done]. simpl. by rewrite (Hnew _ _ Ep' Ep). }
    split; cbn [k' k_world k_procs mqueues sysv].
    + by eapply machine_step_ok; [|apply Hk].
    + intros pid p' Hp'. destruct (k_procs k !! pid) as [p|] eqn:Ep.
      * destruct (Hold _ _ Ep) as (x & Hx & E1). rewrite Hx in Hp'. injection Hp' as <-. rewrite E1. by eapply ko_registry.
      * rewrite (Hnew _ _ Hp' Ep). split; simpl; try done; constructor.
    + apply Hk.
    + by rewrite HP, (ko_mq _ Hk).
    + eapply ipc_pins_perm; [| |apply (ko_ipc _ Hk)]; by rewrite HP.
  - split; [|apply progress_same]. destruct Hk as [H1 H2 H3 H4 H5]. split; try done; cbn [k_world mqueues].
    + by apply Mqueue.run_call_wf.
    + by rewrite mq_plain_pins.
  - split; [|apply progress_same]. destruct Hk as [H1 H2 H3 H4 H5]. split; try done. cbn [k_world sysv]. by apply ipc_plain_pins.
  - split; [|apply progress_same]. destruct Hk as [H1 H2 H3 H4 H5]. by split.
  - destruct (run_retry_settles k pid p c (state_of k p) (call_starts k pid p Hk Hp)) as (st' & r' & Hrun' & Hend).
    rewrite Hrun in Hrun'. injection Hrun' as <- <-. destruct (call_ends k pid p Hk Hp st Hend) as [Hk' Hkept]. split; [done|].
    intros pid' x x' Hx. simpl. rewrite lookup_insert. case_decide; [intros [= <-]; subst; by simplify_eq|intros; by simplify_eq].
  - split; [by eapply exit_step_ok|]. intros pid' x x' Hx. simpl. intros [_ ?]%lookup_delete_Some. by simplify_eq.
Qed.

Lemma initial_kernel_ok e : kernel_ok (initial_kernel e).
Proof.
  split; cbn [initial_kernel k_world k_procs mqueues sysv].
  - apply (reachable_machine_ok z). unfold machine_of, boot. simpl. rewrite fmap_empty. apply rtc_refl.
  - intros pid p. by rewrite lookup_empty.
  - apply mqueue_wf_new.
  - reflexivity.
  - split; [apply table_ok_new|split; [reflexivity|done]..].
Qed.

Lemma reachable_kernel_ok e k : rtc kernel_step (initial_kernel e) k -> kernel_ok k.
Proof. apply (rtc_ind_r (fun k => kernel_ok k)); [apply initial_kernel_ok|]. intros k1 k2 _ Hs Hk. by apply (kernel_step_ok k1 k2). Qed.

(** The steps while a process lives. *)
Definition alive_step (pid : Z) (k k' : Kernel) : Prop := kernel_step k k' /\ is_Some (k_procs k' !! pid).

Lemma alive_kept pid k k' p : rtc (alive_step pid) k k' -> kernel_ok k -> k_procs k !! pid = Some p ->
  kernel_ok k' /\ exists p', k_procs k' !! pid = Some p' /\ kept (kp_retries p) (kp_retries p').
Proof.
  intros Hrun. revert p. induction Hrun as [k|k1 k2 k3 [Hstep [p2 Hp2]] _ IH]; intros p Hk Hp; [split; [done|by exists p]|].
  destruct (kernel_step_ok _ _ Hstep Hk) as [Hk2 Hprog]. destruct (IH p2 Hk2 Hp2) as (Hk3 & p3 & Hp3 & Hkept).
  split; [done|]. exists p3. split; [done|]. etransitivity; [by eapply Hprog|done].
Qed.

(** ** What a new binding files *)

Lemma bind_inv {S A B} (m : op S A) (f : A -> op S B) s s' b : op_bind m f s = Some (s', Ok b) ->
  exists s1 a, m s = Some (s1, Ok a) /\ f a s1 = Some (s', Ok b).
Proof. unfold op_bind. destruct (m s) as [[s1 [a|e]]|]; [eauto|done|done]. Qed.

Lemma dropping_inv {A} anc (m : op (RetryProc F * RetryWorld E) A) st st' a : dropping env anc m st = Some (st', Ok a) -> m st = Some (st', Ok a).
Proof.
  unfold dropping, op_match. destruct (m st) as [[s1 [x|err]]|]; [by intros [= <- <-]| |done].
  intros (? & ? & _ & H)%bind_inv. discriminate.
Qed.

Lemma release_and_fail_fails {B} l : forall released error (st st' : RetryProc F * RetryWorld E) (b : B),
  release_and_fail env l released error st <> Some (st', Ok b).
Proof.
  induction l as [|t l IH]; intros released error st st' b; simpl.
  - intros (? & ? & _ & H)%bind_inv. destruct released; discriminate.
  - unfold outcome, op_match. destruct (release_ofd_reference env (ofd_idx t) st) as [[s1 [x|err]]|]; [apply IH|apply IH|done].
Qed.

Lemma no_token tid o s : has_binding_for_tid tid s = false -> token_for (F := F) tid o s = Err ENOENT.
Proof.
  intros Hno. unfold token_for. destruct (List.find _ _) as [b|] eqn:Ef; [|done]. exfalso. apply find_some in Ef as [Hb [Ht _]%andb_true_iff].
  unfold has_binding_for_tid in Hno. rewrite (proj2 (existsb_exists _ _)) in Hno; [done|]. by exists b.
Qed.

(** How a task blocks on descriptors: on one, on one with descriptors in
    transit, on the two of a transfer, or with a vector. *)
Inductive DescriptorWait : Type :=
  | WaitOne (fd : Z) (ancillary : option (list F))
  | WaitTwo (input output : Z)
  | WaitVector (fd : Z) (v : PendingVectorIo).

Definition waits_on (c : DescriptorWait) : list Z := match c with WaitOne fd _ | WaitVector fd _ => [fd] | WaitTwo i o => [i; o] end.
Definition block_on (mem : RetryMemory) (tid syscall : Z) (c : DescriptorWait) : op (RetryProc F * RetryWorld E) Z :=
  match c with
  | WaitOne fd anc => ensure_blocking_retry_ofd_binding env size_of_binding mem tid syscall fd anc
  | WaitTwo i o => ensure_blocking_retry_ofd_pair_binding env size_of_binding mem tid syscall i o
  | WaitVector fd v => ensure_blocking_retry_vector_binding env size_of_binding mem tid syscall fd v
  end.
Definition blocking_call (mem : RetryMemory) (tid syscall : Z) (c : DescriptorWait) : RetryCall :=
  match c with
  | WaitOne fd anc => REnsureOfd mem tid syscall fd anc
  | WaitTwo i o => REnsurePair mem tid syscall i o
  | WaitVector fd v => REnsureVector mem tid syscall fd v
  end.

(** The description a target retains for a number. *)
Definition retains (fd : Z) (t : StableOfdTarget) (target : BlockingRetryTarget F) : Prop :=
  original_fd t = fd /\
  match target with
  | TOfd t' | TSendmsg t' _ | TVector t' _ => t' = t
  | TOfdPair input output => input = t \/ original_fd input <> fd /\ output = t
  | _ => False
  end.

Lemma retains_bare fd t target target' : bare target' = bare target -> retains fd t target -> retains fd t target'.
Proof. destruct target, target'; simpl; intros Hb [H1 H2]; try done; simplify_eq; done. Qed.

Lemma retains_pin fd t target : retains fd t target -> In (stable_pin t) (target_pins target).
Proof. destruct target; intros [_ H]; try done; try (left; by rewrite H). destruct H as [->|[_ ->]]; [by left|right; by left]. Qed.

(** A number and the description it names. *)
Definition names (p : RetryProc F) (fd : Z) (x : OpenFileDesc) : Prop :=
  exists entry, Fd.get (fd_table (retry_tables p)) fd = Ok entry /\ Ofd.get (ofd_table (retry_tables p)) (Z.to_nat (ofd_ref entry)) = Some x.

Lemma stable_names fd (st st' : RetryProc F * RetryWorld E) t : stable_ofd_target fd st = Some (st', Ok t) ->
  st' = st /\ original_fd t = fd /\ exists x, names (fst st) fd x /\ stable_id t = ofd_id x.
Proof.
  unfold stable_ofd_target. intros [= <- H]. split; [done|]. destruct (Fd.get _ fd) as [entry|] eqn:Eg; [|done]. unfold ok_or in H.
  destruct (Ofd.get _ _) as [x|] eqn:Ex; [|done]. injection H as <-. split; [done|]. exists x. split; [by exists entry|done].
Qed.

Lemma prepare_tables mem (st st' : RetryProc F * RetryWorld E) tok : on_retries (prepare_insert size_of_binding mem) st = Some (st', Ok tok) ->
  retry_tables (fst st') = retry_tables (fst st).
Proof. unfold on_retries. destruct (prepare_insert _ _ _) as [[? ?]|]; [|done]. by intros [= <- _]. Qed.

Lemma insert_files tok tid o target h (st st' : RetryProc F * RetryWorld E) token : (forall e s s' t, h e s <> Some (s', Ok t)) ->
  op_match (on_retries (insert_prepared tok tid o target)) (fun _ => op_ret tok) h st = Some (st', Ok token) ->
  In (mkBinding token tid o target) (all_bindings (retries (fst st'))).
Proof.
  intros Hh. unfold op_match, on_retries. destruct (insert_prepared tok tid o target (retries (fst st))) as [[s1 r]|] eqn:Ei; [|done].
  destruct r as [[]|err]; [|intros H; by apply Hh in H]. intros [= <- <-]. cbn [fst retries]. revert Ei. unfold insert_prepared.
  destruct (negb _); [done|]. destruct (_ || _); [done|]. unfold push. destruct (_ <? _); [|done]. intros [= <-]. apply in_app_iff. right. by left.
Qed.

(** What a blocked call files: a target that retains, for every number it
    waits on, the description the number names. *)
Definition filed_for (c : DescriptorWait) (p : RetryProc F) (o : BlockingRetryOperation) (tid token : Z) (st : RetryProc F * RetryWorld E) : Prop :=
  exists target, In (mkBinding token tid o target) (all_bindings (retries (fst st)))
    /\ forall fd, In fd (waits_on c) -> exists t x, retains fd t target /\ names p fd x /\ stable_id t = ofd_id x.

Lemma begin_inv mem tid o found k (p : RetryProc F) (w : RetryWorld E) (st : RetryProc F * RetryWorld E) token : has_binding_for_tid tid (retries p) = false ->
  begin_binding size_of_binding mem tid o found k (p, w) = Some (st, Ok token) ->
  exists st1 tok, retry_tables (fst st1) = retry_tables p /\ k tok st1 = Some (st, Ok token).
Proof.
  intros Hno. unfold begin_binding. intros (st1 & s & Hs & H)%bind_inv. injection Hs as <- <-. cbn [fst retries] in H. rewrite no_token, Hno in H by done.
  apply bind_inv in H as (st2 & tok & Hprep & H). exists st2, tok. split; [|done]. by apply prepare_tables in Hprep.
Qed.

Lemma names_tables p p' fd x : retry_tables p' = retry_tables p -> names p' fd x -> names p fd x.
Proof. unfold names. by intros ->. Qed.

Lemma one_files mem tid syscall fd anc p w st token : has_binding_for_tid tid (retries p) = false ->
  ensure_blocking_retry_ofd_binding env size_of_binding mem tid syscall fd anc (p, w) = Some (st, Ok token) ->
  exists o, from_syscall syscall = Ok o /\ filed_for (WaitOne fd anc) p o tid token st.
Proof.
  intros Hno. unfold ensure_blocking_retry_ofd_binding. intros (st1 & o & Ho%dropping_inv & H)%bind_inv. injection Ho as <- Ho. exists o. split; [done|].
  destruct (negb _); [apply bind_inv in H as (? & ? & _ & H); discriminate|].
  apply bind_inv in H as (st2 & s & Hs & H). injection Hs as <- <-. cbn [fst retries] in H. rewrite no_token, Hno in H by done.
  apply bind_inv in H as (st3 & tok & Hprep%dropping_inv & H). apply bind_inv in H as (st4 & t & Ht%dropping_inv & H).
  apply bind_inv in H as (st5 & [] & Hpin%dropping_inv & H). apply prepare_tables in Hprep. apply stable_names in Ht as (-> & Hfd & x & Hx%(names_tables p) & Hid); [|done].
  assert (forall anc e s s' t', (do! _ <- drop_option env anc; release_and_fail env [t] (Ok tt) e) s <> Some (s', Ok (t' : Z))) as Hfail
    by (intros anc' e s s' t' (? & ? & _ & Hf)%bind_inv; by apply release_and_fail_fails in Hf).
  unfold retain_option in H. destruct anc as [batch|].
  - destruct (retain_batch env batch (others (snd st5))) as [[e b'] [[]|err]]; [|by apply Hfail in H].
    exists (TSendmsg t b'). split; [by eapply insert_files in H; [|intros; apply (Hfail (Some b'))]|]. intros fd' [<-|[]]. by exists t, x.
  - exists (TOfd t). split; [by eapply insert_files in H; [|intros; apply (Hfail None)]|]. intros fd' [<-|[]]. by exists t, x.
Qed.

Lemma two_files mem tid syscall i f p w st token : has_binding_for_tid tid (retries p) = false ->
  ensure_blocking_retry_ofd_pair_binding env size_of_binding mem tid syscall i f (p, w) = Some (st, Ok token) ->
  exists o, from_syscall syscall = Ok o /\ filed_for (WaitTwo i f) p o tid token st.
Proof.
  intros Hno. unfold ensure_blocking_retry_ofd_pair_binding. intros (st1 & o & Ho & H)%bind_inv. injection Ho as <- Ho. exists o. split; [done|].
  destruct (negb _); [done|]. apply begin_inv in H as (st2 & tok & E2 & H); [|done].
  apply bind_inv in H as (st3 & t1 & Ht1 & H). apply stable_names in Ht1 as (-> & Hf1 & x1 & Hx1%(names_tables p) & Hid1); [|done].
  apply bind_inv in H as (st4 & t2 & Ht2 & H). apply stable_names in Ht2 as (-> & Hf2 & x2 & Hx2%(names_tables p) & Hid2); [|done].
  apply bind_inv in H as (st5 & [] & _ & H). unfold op_match at 1 in H. destruct (pin_target t2 st5) as [[st6 [[]|e]]|]; [|by apply release_and_fail_fails in H|done].
  exists (TOfdPair t1 t2). split; [eapply insert_files; [|exact H]; intros; apply release_and_fail_fails|].
  intros fd [<-|[<-|[]]]; [exists t1, x1; by split_and!; [split; [|left]|..]|].
  destruct (decide (i = f)) as [->|Hne]; [exists t1, x1; by split_and!; [split; [|left]|..]|]. exists t2, x2. split_and!; [split; [done|right; split; congruence]|done..].
Qed.

Lemma vector_files mem tid syscall fd v p w st token : has_binding_for_tid tid (retries p) = false ->
  ensure_blocking_retry_vector_binding env size_of_binding mem tid syscall fd v (p, w) = Some (st, Ok token) ->
  exists o, from_syscall syscall = Ok o /\ filed_for (WaitVector fd v) p o tid token st.
Proof.
  intros Hno. unfold ensure_blocking_retry_vector_binding. intros (st1 & o & Ho & H)%bind_inv. injection Ho as <- Ho. exists o. split; [done|].
  destruct (negb _); [done|]. apply begin_inv in H as (st2 & tok & E2 & H); [|done].
  apply bind_inv in H as (st3 & t & Ht & H). apply stable_names in Ht as (-> & Hf & x & Hx%(names_tables p) & Hid); [|done].
  apply bind_inv in H as (st4 & [] & _ & H). exists (TVector t (Some v)). split; [eapply insert_files; [|exact H]; intros; apply release_and_fail_fails|].
  intros fd' [<-|[]]. by exists t, x.
Qed.

Lemma block_files mem tid syscall c p w st token : has_binding_for_tid tid (retries p) = false -> block_on mem tid syscall c (p, w) = Some (st, Ok token) ->
  exists o, from_syscall syscall = Ok o /\ filed_for c p o tid token st.
Proof. destruct c; [apply one_files|apply two_files|apply vector_files]. Qed.

Lemma block_runs mem tid syscall c s st token : block_on mem tid syscall c s = Some (st, Ok token) -> run_retry (blocking_call mem tid syscall c) s = Some (st, Ok tt).
Proof. destruct c; simpl; unfold void, op_bind; by intros ->. Qed.

(** A pinned description is where the target says. *)
Lemma pinned_target_resolves k pid p t target : kernel_ok k -> k_procs k !! pid = Some p -> In (stable_pin t) (target_pins target) ->
  (exists b, In b (all_bindings (kp_retries p)) /\ b_target b = target) ->
  resolve_target t (kp_tables p) = Ok (ofd_idx t) /\ exists x, Ofd.get (ofd_table (kp_tables p)) (ofd_idx t) = Some x /\ ofd_id x = stable_id t.
Proof.
  intros Hk Hp Hin (b & Hb & <-). assert (procs (machine_of k) !! pid = Some (member_of p)) as Hm by (simpl; by rewrite lookup_fmap, Hp).
  destruct (mo_pins _ _ (members_ok _ (ko_machine _ Hk) _ _ Hm) (Z.of_nat (ofd_idx t)) (stable_id t)) as (i & x & Hi & Hx & Hid).
  { simpl. unfold ofd_pins. apply in_flat_map. exists (stable_pin t). split; [|by left]. unfold filed, filed_by. apply in_flat_map. by exists b. }
  apply Nat2Z.inj in Hi as <-. apply get_tview in Hx. cbn [member_of tables] in Hx. unfold resolve_target. rewrite Hx, Hid, Z.eqb_refl. split; [done|by exists x].
Qed.

(** C12. An attempt of a blocked call reaches the descriptions that its numbers
    named when the call first blocked. From any reachable state let a task
    block on a descriptor, on the two of a transfer or with a vector, so that
    the kernel files a binding for it, and let the process and all others do
    anything while the process lives: close the numbers, reuse them, dup over
    them, open, spawn, block and release other calls. As long as the binding is
    filed and no attempt is under way in the process, the token activates, and
    each number then resolves to a description with the identity it had at
    first. *)
Theorem blocked_call_keeps_its_description e k0 pid p0 mem tid syscall c st token k1 p1 b :
  rtc kernel_step (initial_kernel e) k0 -> k_procs k0 !! pid = Some p0 -> has_binding_for_tid tid (kp_retries p0) = false ->
  block_on mem tid syscall c (state_of k0 p0) = Some (st, Ok token) ->
  rtc (alive_step pid) (store k0 pid p0 st) k1 -> k_procs k1 !! pid = Some p1 ->
  binding_for_token token (kp_retries p1) = Some b -> active (kp_retries p1) = None ->
  exists o s, from_syscall syscall = Ok o /\ activate tid token o (kp_retries p1) = (s, Ok tt)
    /\ forall fd, In fd (waits_on c) -> exists entry x i y,
         Fd.get (fd_table (kp_tables p0)) fd = Ok entry /\ Ofd.get (ofd_table (kp_tables p0)) (Z.to_nat (ofd_ref entry)) = Some x
         /\ resolve_io_ofd fd (mkRetryProc (kp_tables p1) s) = Ok i
         /\ Ofd.get (ofd_table (kp_tables p1)) i = Some y /\ ofd_id y = ofd_id x.
Proof.
  intros Hreach Hp0 Hno Hrun Hlater Hp1 Hb Hact. pose proof (reachable_kernel_ok _ _ Hreach) as Hk0.
  destruct (block_files mem tid syscall c (mkRetryProc (kp_tables p0) (kp_retries p0)) (k_world k0) st token Hno Hrun) as (o & Ho & target & Hin & Hret).
  destruct (run_retry_settles k0 pid p0 (blocking_call mem tid syscall c) _ (call_starts k0 pid p0 Hk0 Hp0)) as (st' & r & Hrun' & Hend).
  rewrite (block_runs _ _ _ _ _ _ _ Hrun) in Hrun'. injection Hrun' as <- _.
  destruct (call_ends k0 pid p0 Hk0 Hp0 st Hend) as [Hk _].
  set (p0' := mkKProc (retry_tables (fst st)) (retries (fst st)) (kp_outstanding p0)).
  assert (k_procs (store k0 pid p0 st) !! pid = Some p0') as Hp0' by apply lookup_insert_eq.
  destruct (alive_kept _ _ _ _ Hlater Hk Hp0') as (Hk1 & p1' & Hp1' & [_ Hkept]). rewrite Hp1 in Hp1'. injection Hp1' as <-.
  pose proof (binding_for_token_Some _ _ _ Hb) as [Hb1 Htok].
  pose proof (ko_registry _ Hk _ _ Hp0') as Hreg0. pose proof (ko_registry _ Hk1 _ _ Hp1) as Hreg1. cbn [kp_retries p0'] in *.
  destruct (Hkept b Hb1) as (b0 & Hb0 & [S1 S2 S3 S4]); [rewrite Htok; pose proof (ro_range _ Hreg0 _ Hin); simpl in *; lia|].
  assert (b0 = mkBinding token tid o target) as ->.
  { pose proof (find_token _ _ Hreg0 Hb0) as F1. pose proof (find_token _ _ Hreg0 Hin) as F2. simpl in F2. rewrite <- S1, Htok in F1. congruence. }
  cbn [b_token b_tid b_operation b_target] in *. exists o, (with_active (kp_retries p1) (Some (tid, token, o))). split; [done|].
  split; [unfold activate; by rewrite Hact, Hb, S2, S3, Z.eqb_refl, bool_decide_eq_true_2|].
  intros fd Hfd. destruct (Hret fd Hfd) as (t & x & Hr%(retains_bare _ _ _ _ S4) & (entry & Hg & Hx) & Hid).
  destruct (pinned_target_resolves k1 pid p1 t (b_target b) Hk1 Hp1) as (Hres & y & Hy & Hyid); [by eapply retains_pin|by exists b|].
  exists entry, x, (ofd_idx t), y. split_and!; [done|done| |done|congruence].
  unfold resolve_io_ofd, active_binding_current. cbn [retries with_active active retry_tables].
  change (binding_for_token token (with_active (kp_retries p1) _)) with (binding_for_token token (kp_retries p1)). rewrite Hb.
  destruct Hr as [Eo Hr]. destruct (b_target b); try done; try (subst; by rewrite Z.eqb_refl).
  destruct Hr as [->|[Hne ->]]; [rewrite Eo, Z.eqb_refl; by rewrite Eo, Z.eqb_refl|].
  rewrite (proj2 (Z.eqb_neq _ _) Hne), Eo, Z.eqb_refl. by rewrite Eo, Z.eqb_refl.
Qed.

(** C11. Every pin has one blocked call. In every reachable state no operation
    on blocked calls panics; a task has at most one blocked call and a token
    names one; a description counts exactly its descriptors and the blocked
    calls of its process on it; and the pins that the message queues and the
    System V objects count are exactly those of the blocked calls of all
    processes, each held once. *)
Theorem pins_are_blocked_calls e k : rtc kernel_step (initial_kernel e) k ->
  (forall pid p c, k_procs k !! pid = Some p -> run_retry c (state_of k p) <> None)
  /\ (forall pid p, k_procs k !! pid = Some p -> NoDup (map b_tid (all_bindings (kp_retries p))) /\ NoDup (map b_token (all_bindings (kp_retries p)))
       /\ forall tid token o, active (kp_retries p) = Some (tid, token, o) ->
            exists b, binding_for_token token (kp_retries p) = Some b /\ b_tid b = tid /\ b_operation b = o)
  /\ (forall pid p i o, k_procs k !! pid = Some p -> Ofd.get (ofd_table (kp_tables p)) i = Some o ->
       ref_count o = aliases (fd_table (kp_tables p)) (Z.of_nat i) + pinned (ofd_pins (filed (kp_retries p))) (Z.of_nat i))
  /\ map_to_list (Mqueue.pins (mqueues (k_world k))) ≡ₚ mq_pins (all_pins (k_procs k))
  /\ map_to_list (Ipc.pins (msg (sysv (k_world k)))) ≡ₚ map ipc_pin (msg_pins (all_pins (k_procs k)))
  /\ map_to_list (Ipc.pins (sem (sysv (k_world k)))) ≡ₚ map ipc_pin (sem_pins (all_pins (k_procs k))).
Proof.
  intros Hreach. pose proof (reachable_kernel_ok _ _ Hreach) as Hk. split_and!.
  - intros pid p c Hp. eapply triple_no_panic; [apply run_retry_settles|by apply call_starts].
  - intros pid p Hp. pose proof (ko_registry _ Hk _ _ Hp) as Hs. split_and!; [apply Hs|apply Hs|]. intros tid token o Ha.
    destruct (ro_active _ Hs _ _ _ Ha) as (b & Hb & <- & Ht & Ho). exists b. split; [by apply find_token|done].
  - intros pid p i o Hp Ho. assert (procs (machine_of k) !! pid = Some (member_of p)) as Hm by (simpl; by rewrite lookup_fmap, Hp).
    apply get_tview in Ho. by destruct (mo_counts _ _ (members_ok _ (ko_machine _ Hk) _ _ Hm) i o Ho).
  - apply Hk.
  - apply (ip_msg _ _ _ (ko_ipc _ Hk)).
  - apply (ip_sem _ _ _ (ko_ipc _ Hk)).
Qed.
End Kernel.

(** ** Witnesses *)

(** A process opens a file as descriptor 0, blocks in a read of it, and another
    thread closes the descriptor. *)
Definition retry_env : RetryEnv unit unit :=
  mkRetryEnv _ _ (fun l e => (e, l, Ok tt)) (fun l e => (e, Ok l)) (fun _ e => e) (fun e => e) (fun _ _ e => (e, Ok tt)).
Definition retry_memory : RetryMemory := mkRetryMemory witness_mem true.
Definition retry_world (w : World) : RetryWorld unit := mkRetryWorld w Mqueue.new Ipc.new tt.

Definition retry_p1 : KProc := mkKProc (F := unit) (snd witness_start) no_retries [].
Definition retry_p2 : KProc := mkKProc (F := unit) (snd witness_prepared) no_retries [witness_descriptor].
Definition retry_p3 : KProc := mkKProc (F := unit) (snd witness_published) no_retries [].
Definition retry_k1 : Kernel := mkKernel (retry_world initial_world) (<[1 := retry_p1]> ∅).
Definition retry_k2 : Kernel := mkKernel (retry_world (fst witness_prepared)) (<[1 := retry_p2]> (k_procs retry_k1)).
Definition retry_k3 : Kernel := mkKernel (retry_world (fst witness_published)) (<[1 := retry_p3]> (k_procs retry_k2)).
Definition retry_blocked : RetryProc unit * RetryWorld unit :=
  match ensure_blocking_retry_ofd_binding retry_env 96 retry_memory 1 3 0 None (state_of retry_k3 retry_p3) with
  | Some (st, _) => st
  | None => state_of retry_k3 retry_p3
  end.
Definition retry_k4 : Kernel := store retry_k3 1 retry_p3 retry_blocked.
Definition retry_p4 : KProc := mkKProc (retry_tables (fst retry_blocked)) (retries (fst retry_blocked)) [].
Definition retry_closed : ProcState := after (cells (snd retry_blocked), retry_tables (fst retry_blocked)) (close_descriptor 0).
Definition retry_p5 : KProc := mkKProc (snd retry_closed) (retries (fst retry_blocked)) [].
Definition retry_k5 : Kernel :=
  mkKernel (mkRetryWorld (fst retry_closed) (mqueues (snd retry_blocked)) (sysv (snd retry_blocked)) (others (snd retry_blocked))) (<[1 := retry_p5]> (k_procs retry_k4)).

Lemma retry_k1_step : kernel_step retry_env 96 witness_sizes (initial_kernel tt) retry_k1.
Proof.
  apply (kernel_descriptors retry_env 96 witness_sizes (initial_kernel tt) (<[1 := retry_p1]> ∅) initial_world).
  - unfold machine_of. cbn [k_world k_procs initial_kernel cells]. rewrite fmap_insert, fmap_empty. exact (step_start witness_sizes 1 boot eq_refl).
  - intros pid p. cbn [k_procs initial_kernel]. by rewrite lookup_empty.
  - intros pid p'. rewrite lookup_insert. case_decide; [by intros [= <-]|by rewrite lookup_empty].
Qed.

Lemma retry_machine1 : machine_of retry_k1 = witness_machine1.
Proof. unfold machine_of, retry_k1, witness_machine1. cbn [k_world k_procs]. by rewrite fmap_insert, fmap_empty. Qed.
Lemma retry_machine2 : machine_of retry_k2 = witness_machine2.
Proof. unfold machine_of, retry_k2, witness_machine2. cbn [k_world k_procs]. rewrite fmap_insert. by rewrite <- retry_machine1. Qed.
Lemma retry_machine3 : machine_of retry_k3 = witness_machine3.
Proof. unfold machine_of, retry_k3, witness_machine3. cbn [k_world k_procs]. rewrite fmap_insert. by rewrite <- retry_machine2. Qed.

(** The process of a kernel with one process changes its tables. *)
Lemma retry_tables_step k p p' w : k_procs k !! 1 = Some p -> kp_retries p' = kp_retries p ->
  let k' := mkKernel (mkRetryWorld w (mqueues (k_world k)) (sysv (k_world k)) (others (k_world k))) (<[1 := p']> (k_procs k)) in
  machine_step witness_sizes (machine_of k) (machine_of k') -> kernel_step retry_env 96 witness_sizes k k'.
Proof.
  intros Hp Hr k' Hm. apply kernel_descriptors; [exact Hm| |].
  - intros pid q Hq. rewrite lookup_insert. case_decide; [|by exists q]. subst pid. rewrite Hp in Hq. injection Hq as <-. by exists p'.
  - intros pid q. rewrite lookup_insert. case_decide; [subst pid; congruence|congruence].
Qed.

Lemma retry_k3_reachable : rtc (kernel_step retry_env 96 witness_sizes) (initial_kernel tt) retry_k3.
Proof.
  apply (rtc_l _ _ _ _ retry_k1_step). apply (rtc_l _ _ retry_k2); [|apply rtc_once].
  - apply (retry_tables_step retry_k1 retry_p1 retry_p2); [apply lookup_insert_eq|reflexivity|].
    change (machine_step witness_sizes (machine_of retry_k1) (machine_of retry_k2)). rewrite retry_machine1, retry_machine2. apply witness_prepare_step.
  - apply (retry_tables_step retry_k2 retry_p2 retry_p3); [apply lookup_insert_eq|reflexivity|].
    change (machine_step witness_sizes (machine_of retry_k2) (machine_of retry_k3)). rewrite retry_machine2, retry_machine3. apply witness_publish_step.
Qed.

Lemma retry_close_step : kernel_step retry_env 96 witness_sizes retry_k4 retry_k5.
Proof.
  apply (retry_tables_step retry_k4 retry_p4 retry_p5); [apply lookup_insert_eq|reflexivity|].
  unfold machine_of at 2. cbn [k_world k_procs cells]. rewrite fmap_insert.
  refine (step_close witness_sizes 1 (member_of retry_p4) 0 (machine_of retry_k4) retry_closed (Ok false) _ _); [|vm_compute; reflexivity].
  unfold machine_of, retry_k4, store. cbn [procs k_procs]. rewrite lookup_fmap, lookup_insert_eq. reflexivity.
Qed.

Lemma blocked_call_keeps_its_description_witness :
  Fd.get (fd_table (kp_tables retry_p5)) 0 = Err EBADF
  /\ exists s i y, activate 1 1 OpRead (kp_retries retry_p5) = (s, Ok tt) /\ resolve_io_ofd 0 (mkRetryProc (kp_tables retry_p5) s) = Ok i
       /\ Ofd.get (ofd_table (kp_tables retry_p5)) i = Some y /\ ofd_id y = 1.
Proof.
  split; [vm_compute; reflexivity|].
  destruct (blocked_call_keeps_its_description retry_env 96 witness_sizes tt retry_k3 1 retry_p3 retry_memory 1 3 (WaitOne 0 None) retry_blocked 1 retry_k5 retry_p5
    (mkBinding 1 1 OpRead (TOfd (mkStable 0 0 1)))) as (o & s & Ho & Hs & Hfds).
  - exact retry_k3_reachable.
  - apply lookup_insert_eq.
  - vm_compute. reflexivity.
  - vm_compute. reflexivity.
  - apply rtc_once. split; [exact retry_close_step|]. exists retry_p5. apply lookup_insert_eq.
  - apply lookup_insert_eq.
  - vm_compute. reflexivity.
  - vm_compute. reflexivity.
  - assert (o = OpRead) as -> by (vm_compute in Ho; congruence). destruct (Hfds 0 (or_introl eq_refl)) as (entry & x & i & y & He & Hx & Hi & Hy & Hid).
    exists s, i, y. split; [exact Hs|]. split; [exact Hi|]. split; [exact Hy|].
    rewrite Hid. assert (entry = mkFdEntry 0 0) as -> by (vm_compute in He; congruence). vm_compute in Hx. injection Hx as <-. reflexivity.
Defined.

Lemma pins_are_blocked_calls_witness :
  exists o, Ofd.get (ofd_table (kp_tables retry_p4)) 0 = Some o /\ ref_count o = 2.
Proof.
  assert (rtc (kernel_step retry_env 96 witness_sizes) (initial_kernel tt) retry_k4) as Hreach.
  { eapply rtc_r; [exact retry_k3_reachable|]. refine (kernel_retry retry_env 96 witness_sizes retry_k3 1 retry_p3 (REnsureOfd retry_memory 1 3 0 None)
      retry_blocked (Ok tt) _ _); [apply lookup_insert_eq|vm_compute; reflexivity]. }
  destruct (pins_are_blocked_calls retry_env 96 witness_sizes tt retry_k4 Hreach) as (_ & _ & H & _).
  destruct (Ofd.get (ofd_table (kp_tables retry_p4)) 0) as [o|] eqn:Ho; [|vm_compute in Ho; discriminate].
  exists o. split; [reflexivity|]. rewrite (H 1 retry_p4 0%nat o); [vm_compute; reflexivity|apply lookup_insert_eq|exact Ho].
Defined.
