(* ===== verification/Accept.v ===== *)
(** * Accepting connections (crates/runtime-core/src/syscalls.rs,
    crates/runtime-core/src/process.rs)

    [accept] takes the oldest connection from the shared queue of a listening
    socket and gives it a socket and a descriptor. Everything that can fail is
    done first: the descriptor is prepared, the socket made and its slot
    reserved before the connection leaves the queue. *)

From S2P Require Import Prelude Mqueue Ipc Lock Fd OfdRefs Ofd Descriptors Pipe PipeTable IoBuffer Socket Backlog BlockedRetry.

Definition O_RDWR : Z := 2.
(** [b"/dev/socket"]. *)
Definition dev_socket : list Z := [47; 100; 101; 118; 47; 115; 111; 99; 107; 101; 116].

Definition ipv4_mapped_addr6 (addr : list Z) : list Z := replicate 10 0 ++ [255; 255] ++ addr.

(** The process, the cells of the descriptions and the accept queues. *)
Record AcceptState (F : Type) : Type := mkAcceptState {
  a_proc : RetryProc F; a_sockets : SocketTable F; a_cells : World; a_backlogs : SharedBacklogTable }.
Arguments mkAcceptState {F}. Arguments a_proc {F}. Arguments a_sockets {F}. Arguments a_cells {F}. Arguments a_backlogs {F}.

(** What the allocations of an accept meet. *)
Record AcceptMemory : Type := mkAcceptMemory {
  descriptor_memory : OpenMemory; name_memory : Memory; info_memory : Memory; slot_memory : Memory }.

Section Accept.
Context {F : Type}.
Variable pid : Z.
Variable size_of_fd_slot size_of_ofd_slot size_of_socket_slot : Z.
Implicit Types (s : SocketInfo F).
Abbreviation State := (AcceptState F).

Definition on_proc {A} (m : op ProcState A) : op State A := fun st =>
  match m (a_cells st, retry_tables (a_proc st)) with
  | None => None
  | Some ((w, p), r) => Some (mkAcceptState (mkRetryProc p (retries (a_proc st))) (a_sockets st) w (a_backlogs st), r)
  end.
Definition on_sockets {A} (m : op (SocketTable F) A) : op State A := fun st =>
  match m (a_sockets st) with
  | None => None
  | Some (t, r) => Some (mkAcceptState (a_proc st) t (a_cells st) (a_backlogs st), r)
  end.
Definition op_made {A} (m : option (result A)) : op State A := fun st => option_map (fun r => (st, r)) m.

(** [Process::open_descriptor]: the reservation is given back if [open] fails. *)
Definition open_descriptor (mem : OpenMemory) (kind : FileType) (flags : Z) (path : list Z) (fd_flags : Z) (open : op State Z) : op State Z :=
  do! prepared <- on_proc (prepare_descriptor pid size_of_fd_slot size_of_ofd_slot mem kind flags path);
  op_match open
    (fun handle => on_proc (publish_descriptor pid prepared handle fd_flags))
    (fun error => do! _ <- on_proc (cancel_descriptor pid prepared); op_err error).

(** The socket of an accepted connection, from the listener and the queue. *)
Definition accepted_names (d : SocketDomain) (n : SocketNames) (path : option (IoBuffer Z)) (pc : PendingConnection) (fresh : SocketNames) : SocketNames :=
  let names addr addr6 peer peer6 path :=
    mkNames addr addr6 (bind_port n) peer (udp_source_addr fresh) peer6 (from_port pc) (from_cred pc) path in
  match d with
  | Inet => names (if bool_decide (local_addr pc = zero4) then bind_addr n else local_addr pc) (bind_addr6 fresh) (from_addr pc) (peer_addr6 fresh) (bind_path fresh)
  | Inet6 => names (bind_addr fresh) (bind_addr6 n) (peer_addr fresh)
               (if peer_is_ipv6 pc then from_addr6 pc else ipv4_mapped_addr6 (from_addr pc)) (bind_path fresh)
  | Unix => names (bind_addr fresh) (bind_addr6 fresh) (peer_addr fresh) (peer_addr6 fresh) path
  end.
Definition accepted_socket (l : SocketInfo F) (path : option (IoBuffer Z)) (pc : PendingConnection) (fresh : SocketInfo F) : SocketInfo F :=
  let k := link fresh in
  mkSocket (poll_identity fresh) (domain fresh) (sock_type fresh) (protocol fresh) Connected
    (mkLink (peer_idx k) (Some (recv_pipe_idx pc)) (Some (send_pipe_idx pc)) (shut_rd k) (shut_wr k) (host_net_handle k) true)
    (opts fresh) (accepted_names (domain l) (names l) path pc (names fresh)) (listener fresh) (once fresh).

(** The peer of a local connection within the process. *)
Definition peer_matches (pc : PendingConnection) (peer : SocketInfo F) : bool :=
  bool_decide (domain peer = Unix) && bool_decide (sock_type peer = SockStream) && bool_decide (state peer = Connected)
  && bool_decide (send_buf_idx (link peer) = Some (recv_pipe_idx pc)) && bool_decide (recv_buf_idx (link peer) = Some (send_pipe_idx pc)).
Definition with_peer (i : nat) s : SocketInfo F :=
  let k := link s in
  mkSocket (poll_identity s) (domain s) (sock_type s) (protocol s) (state s)
    (mkLink (Some i) (recv_buf_idx k) (send_buf_idx k) (shut_rd k) (shut_wr k) (host_net_handle k) (global_pipes k))
    (opts s) (names s) (listener s) (once s).
Definition link_peers (d : SocketDomain) (pc : PendingConnection) (i : nat) (t : SocketTable F) : SocketTable F :=
  if bool_decide (d = Unix) && (peer_pid pc =? pid) then
    match peer_sock_idx pc with
    | Some peer =>
        match Socket.get t peer with
        | Some p => if peer_matches pc p then Socket.update peer (with_peer i) (Socket.update i (with_peer peer) t) else t
        | None => t
        end
    | None => t
    end
  else t.

Definition socket_handle (i : nat) : Z := - (Z.of_nat i + 1).

Definition with_backlog (q : IoBuffer nat) s : SocketInfo F :=
  let c := once s in
  mkSocket (poll_identity s) (domain s) (sock_type s) (protocol s) (state s) (link s) (opts s) (names s) (listener s)
    (mkOnce q (dgram_queue c) (netlink_queue c) (oob_byte c) (connect_error c)).

(** The connections a listener without a shared queue holds itself. *)
Definition accept_inline (sock_idx : nat) : op State Z := fun st =>
  match Socket.get (a_sockets st) sock_idx with
  | None => Some (st, Err EBADF)
  | Some sock =>
      match values (listen_backlog (once sock)) with
      | [] => Some (st, Err EAGAIN)
      | i :: rest =>
          Some (mkAcceptState (a_proc st)
                  (Socket.update sock_idx (with_backlog (mkIoBuffer rest (IoBuffer.capacity (listen_backlog (once sock))))) (a_sockets st))
                  (a_cells st) (a_backlogs st), Ok (socket_handle i))
      end
  end.

Definition accept_connection (mem : AcceptMemory) (sock_idx : nat) : op State Z := fun st =>
  match Socket.get (a_sockets st) sock_idx with
  | None => Some (st, Err EBADF)
  | Some sock =>
      match shared_backlog_idx (listener sock) with
      | None => accept_inline sock_idx st
      | Some shared_idx =>
          (do! path <- op_made (copy_option 1 (name_memory mem) (bind_path (names sock)));
           do! fresh <- op_made (Socket.try_new (info_memory mem) (domain sock) SockStream 0);
           do! _ <- on_sockets (prepare_additional size_of_socket_slot (slot_memory mem) 1);
           fun st =>
             match pop shared_idx (a_backlogs st) with
             | (b, None) => accept_inline sock_idx (mkAcceptState (a_proc st) (a_sockets st) (a_cells st) b)
             | (b, Some pc) =>
                 (do! i <- on_sockets (publish_prepared (accepted_socket sock path pc fresh));
                  do! _ <- on_sockets (op_modify (link_peers (domain sock) pc i));
                  op_ret (socket_handle i)) (mkAcceptState (a_proc st) (a_sockets st) (a_cells st) b)
             end) st
      end
  end.

Definition sys_accept (mem : AcceptMemory) (fd : Z) : op State Z := fun st =>
  match resolve_io_ofd fd (a_proc st) with
  | Err e => Some (st, Err e)
  | Ok ofd_idx =>
      match Ofd.get (ofd_table (retry_tables (a_proc st))) ofd_idx with
      | None => Some (st, Err EBADF)
      | Some o =>
          if negb (bool_decide (file_type o = Ofd.Socket)) then Some (st, Err ENOTSOCK)
          else if host_handle o =? i64_max then None
          else
            let sock_idx := Z.to_nat ((- (host_handle o + 1)) mod 2 ^ 32) in
            match Socket.get (a_sockets st) sock_idx with
            | None => Some (st, Err EBADF)
            | Some sock =>
                if negb (bool_decide (sock_type sock = SockStream)) then Some (st, Err EOPNOTSUPP)
                else if negb (bool_decide (state sock = Listening)) then Some (st, Err EINVAL)
                else open_descriptor (descriptor_memory mem) Ofd.Socket O_RDWR dev_socket 0 (accept_connection mem sock_idx) st
            end
      end
  end.
End Accept.
