(* ===== verification/AcceptThms.v ===== *)
(** * Accepting connections: theorems

    An accept that fails leaves every connection, socket and descriptor as it
    was; one that succeeds hands the oldest connection of the listener to one
    new descriptor. *)

From S2P Require Import Prelude Mqueue Ipc Lock Fd OfdRefs Ofd OfdInv Descriptors DescInv DescThms Pipe PipeTable IoBuffer Socket SocketThms Backlog BacklogThms BlockedRetry Accept.

Section Accept.
Context {F : Type} (pid : Z) (size_of_fd_slot size_of_ofd_slot size_of_socket_slot : Z).
Implicit Types (st : AcceptState F) (t : SocketTable F).

(** ** The socket *)

Definition same_sockets t t' : Prop := forall j, Socket.get t' j = Socket.get t j.

(** The listener's oldest connection went to socket [i]. *)
Definition from_shared (l : SocketInfo F) st st' (i : nat) : Prop :=
  exists shared e pc rest, shared_backlog_idx (listener l) = Some shared /\ live_backlog (a_backlogs st) shared = Some e
    /\ values (queue e) = pc :: rest
    /\ a_backlogs st' = put_backlog shared (mkBacklog (mkIoBuffer rest (IoBuffer.capacity (queue e))) (Backlog.ref_count e) (in_use e)) (a_backlogs st)
    /\ Socket.get (a_sockets st) i = None
    /\ exists s, Socket.get (a_sockets st') i = Some s /\ state s = Connected
         /\ recv_buf_idx (link s) = Some (recv_pipe_idx pc) /\ send_buf_idx (link s) = Some (send_pipe_idx pc)
         /\ peer_port (names s) = from_port pc /\ bind_port (names s) = bind_port (names l).
Definition from_inline (idx : nat) (l : SocketInfo F) st st' (i : nat) : Prop :=
  exists rest l', values (listen_backlog (once l)) = i :: rest /\ a_backlogs st' = a_backlogs st
    /\ Socket.get (a_sockets st') idx = Some l' /\ values (listen_backlog (once l')) = rest
    /\ forall j, j <> idx -> Socket.get (a_sockets st') j = Socket.get (a_sockets st) j.
Definition delivered (idx : nat) st st' (i : nat) : Prop :=
  exists l, Socket.get (a_sockets st) idx = Some l /\ (from_shared l st st' i \/ from_inline idx l st st' i).

Definition accept_post (idx : nat) st st' (r : result Z) : Prop :=
  a_proc st' = a_proc st /\ a_cells st' = a_cells st /\ sockets_ok (a_sockets st') /\
  match r with
  | Ok h => exists i, h = socket_handle i /\ delivered idx st st' i
  | Err _ => a_backlogs st' = a_backlogs st /\ same_sockets (a_sockets st) (a_sockets st')
  end.

Lemma update_get t i f s : sockets_ok t -> Socket.get t i = Some s -> slot_set t (Socket.update i f t) i (Some (f s)).
Proof.
  intros Hok Hs. unfold Socket.update. rewrite Hs. apply put_slot_set; [done|]. apply get_lookup in Hs. by eapply lookup_lt_Some.
Qed.

Lemma accept_inline_ok idx st : sockets_ok (a_sockets st) -> exists st' r, accept_inline idx st = Some (st', r) /\ accept_post idx st st' r.
Proof.
  intros Hok. unfold accept_inline. destruct (Socket.get (a_sockets st) idx) as [l|] eqn:El; [|eexists _, _; split; [done|]; by split_and!].
  destruct (values (listen_backlog (once l))) as [|i rest] eqn:Eq; [eexists _, _; split; [done|]; by split_and!|].
  eexists _, _. split; [done|]. destruct (update_get _ _ (with_backlog (mkIoBuffer rest (IoBuffer.capacity (listen_backlog (once l))))) _ Hok El) as [Hok' Hg].
  split_and!; [done|done|done|]. exists i. split; [done|]. exists l. split; [done|]. right.
  exists rest. eexists. split_and!; [done|done| | |]; cbn [a_sockets].
  - by rewrite Hg, decide_True.
  - done.
  - intros j Hj. by rewrite Hg, decide_False.
Qed.

(** Publication into a prepared table. *)
Lemma publish_after_prepare mem s t t1 : sockets_ok t -> prepare_additional size_of_socket_slot mem 1 t = Some (t1, Ok tt) ->
  exists t2 i, publish_prepared s t1 = Some (t2, Ok i) /\ slot_set t t2 i (Some s) /\ Socket.get t i = None.
Proof.
  intros Hok Hp. destruct (socket_alloc_spec size_of_socket_slot mem s t Hok) as (t2 & r & Ha & H). revert Ha. unfold Socket.try_alloc, op_bind. rewrite Hp.
  intros Ha. assert (exists i, r = Ok i) as [i ->].
  { revert Ha. unfold publish_prepared. destruct (position _ _); [intros [= _ <-]; eauto|]. unfold op_bind, on_entries, push. destruct (_ <? _); [intros [= _ <-]; eauto|done]. }
  exists t2, i. split_and!; [done|apply H|apply H].
Qed.

Lemma link_peers_get d pc i t s : sockets_ok t -> Socket.get t i = Some s -> sockets_ok (link_peers pid d pc i t) /\
  exists s', Socket.get (link_peers pid d pc i t) i = Some s' /\ state s' = state s /\ recv_buf_idx (link s') = recv_buf_idx (link s)
    /\ send_buf_idx (link s') = send_buf_idx (link s) /\ names s' = names s.
Proof.
  intros Hok Hs. unfold link_peers. destruct (_ && _); [|split; [done|by exists s]]. destruct (peer_sock_idx pc) as [peer|]; [|split; [done|by exists s]].
  destruct (Socket.get t peer) as [x|] eqn:Ex; [|split; [done|by exists s]]. destruct (peer_matches pc x); [|split; [done|by exists s]].
  destruct (update_get _ _ (with_peer peer) _ Hok Hs) as [Hok1 H1]. set (t1 := Socket.update i _ t) in *.
  assert (exists y, Socket.get t1 peer = Some y) as [y Hy] by (rewrite H1; case_decide; eauto).
  destruct (update_get _ _ (with_peer i) _ Hok1 Hy) as [Hok2 H2]. split; [done|]. rewrite H2. case_decide as E.
  - subst peer. rewrite H1, decide_True in Hy by done. injection Hy as <-. by eexists.
  - rewrite H1, decide_True by done. by eexists.
Qed.

Lemma accepted_ports d n path pc fresh : peer_port (accepted_names d n path pc fresh) = from_port pc /\ bind_port (accepted_names d n path pc fresh) = bind_port n.
Proof. by destruct d. Qed.

Lemma accept_post_same idx st st1 st' r : a_proc st1 = a_proc st -> a_cells st1 = a_cells st -> a_backlogs st1 = a_backlogs st ->
  same_sockets (a_sockets st) (a_sockets st1) -> accept_post idx st1 st' r -> accept_post idx st st' r.
Proof.
  intros E1 E2 E3 Hs (P1 & P2 & P3 & P4). split_and!; [congruence|congruence|done|]. destruct r as [h|e].
  - destruct P4 as (i & -> & l & Hl & D). exists i. split; [done|]. exists l. rewrite <- (Hs idx). split; [done|]. destruct D as [D|D]; [left|right].
    + destruct D as (shared & e & pc & rest & D1 & D2 & D3 & D4 & D5 & D6). exists shared, e, pc, rest. rewrite <- (Hs i), <- E3. by split_and!.
    + destruct D as (rest & l' & D1 & D2 & D3 & D4 & D5). exists rest, l'. split_and!; try done; [congruence|]. intros j Hj. rewrite <- (Hs j). by apply D5.
  - destruct P4 as [P4 P5]. split; [congruence|]. intros j. by rewrite P5, Hs.
Qed.

Lemma accept_connection_ok mem idx st : sockets_ok (a_sockets st) ->
  exists st' r, accept_connection pid size_of_socket_slot mem idx st = Some (st', r) /\ accept_post idx st st' r.
Proof.
  intros Hok. unfold accept_connection. destruct (Socket.get (a_sockets st) idx) as [l|] eqn:El; [|eexists _, _; split; [done|]; by split_and!].
  destruct (shared_backlog_idx (listener l)) as [shared|] eqn:Es; [|by apply accept_inline_ok].
  unfold op_bind at 1, op_made. destruct (makes_copy_option 1 (name_memory mem) (bind_path (names l))) as ([path|e] & -> & _); cbn [option_map];
    [|eexists _, _; split; [done|]; by split_and!].
  unfold op_bind at 1. assert (exists r, Socket.try_new (F := F) (info_memory mem) (domain l) SockStream 0 = Some r) as [r ->].
  { unfold Socket.try_new. destruct (makes_copy 1 (info_memory mem) cubic) as ([c|e] & -> & _); eauto. }
  cbn [option_map]. destruct r as [fresh|e]; [|eexists _, _; split; [done|]; by split_and!].
  unfold op_bind at 1, on_sockets at 1. unfold prepare_additional.
  destruct (reserve_slots size_of_socket_slot (slot_memory mem) (saturating_sub 1 (lenZ (List.filter Socket.is_free (socket_slots (a_sockets st))))) _ Hok) as (t1 & r & Hres & S1 & Hok1 & _ & He).
  rewrite Hres. destruct r as [[]|e]; [|destruct (He e eq_refl) as [-> _]; eexists _, _; split; [done|]; by split_and!].
  assert (same_sockets (a_sockets st) t1) as Hsame by (intros j; unfold Socket.get; by rewrite S1).
  set (st1 := mkAcceptState (a_proc st) t1 (a_cells st) (a_backlogs st)).
  assert (exists st' r, accept_inline idx st1 = Some (st', r) /\ accept_post idx st st' r) as Hinline.
  { destruct (accept_inline_ok idx st1 Hok1) as (st' & r & Hr & Hp). exists st', r. split; [done|]. by eapply (accept_post_same idx st st1). }
  unfold pop. change (a_backlogs st1) with (a_backlogs st). destruct (live_backlog (a_backlogs st) shared) as [e|] eqn:Eb; [|exact Hinline].
  destruct (values (queue e)) as [|pc rest] eqn:Eq; [exact Hinline|].
  destruct (publish_after_prepare (slot_memory mem) (accepted_socket l path pc fresh) (a_sockets st) t1 Hok Hres) as (t2 & i & Hpub & [Hok2 Hset] & Hnone).
  unfold op_bind, on_sockets. cbn [a_sockets st1]. rewrite Hpub. cbn [a_sockets a_proc a_cells a_backlogs]. unfold op_modify, op_ret.
  eexists _, _. split; [done|]. cbn [a_proc a_cells a_sockets a_backlogs].
  assert (Socket.get t2 i = Some (accepted_socket l path pc fresh)) as Hi by (by rewrite Hset, decide_True).
  destruct (link_peers_get (domain l) pc i t2 _ Hok2 Hi) as (Hok3 & s & Hs & Q1 & Q2 & Q3 & Q4).
  split_and!; [done|done|done|]. exists i. split; [done|]. exists l. split; [done|]. left. exists shared, e, pc, rest. split_and!; try done.
  exists s. rewrite Q1, Q2, Q3, Q4. cbn [accepted_socket names]. destruct (accepted_ports (domain l) (names l) path pc (names fresh)) as [-> ->]. by split_and!.
Qed.

(** ** The descriptor *)

Definition fds_of st : FdTable := fd_table (retry_tables (a_proc st)).
Definition ofds_of st : OfdTable := ofd_table (retry_tables (a_proc st)).

(** The machine with the process's tables as [st] has them. *)
Definition machine_with (M : Machine) (m : Member) st : Machine :=
  mkMachine (a_cells st) (<[pid := mkMember (retry_tables (a_proc st)) (DescInv.pins m) (outstanding m)]> (procs M)).

(** Number [n] was free and is the only one that changed; it names a new
    description of the given type and handle. *)
Definition new_descriptor (kind : FileType) (fd_flags h : Z) st st' (n : Z) : Prop :=
  Fd.get (fds_of st) n = Err EBADF
  /\ (exists k o, Fd.get (fds_of st') n = Ok (mkFdEntry (Z.of_nat k) fd_flags) /\ Ofd.get (ofds_of st') k = Some o
       /\ file_type o = kind /\ host_handle o = h)
  /\ forall n', n' <> n -> Fd.get (fds_of st') n' = Fd.get (fds_of st) n'.

Lemma get_open_ext (t t' : FdTable) n : (forall j entry, n = Z.of_nat j -> view t' j = Fd.Open entry <-> view t j = Fd.Open entry) -> Fd.get t' n = Fd.get t n.
Proof.
  intros H. destruct (Fd.get t n) as [entry|e] eqn:E.
  - apply get_is_open. apply get_is_open in E as (j & -> & Hj). exists j. split; [done|]. by apply H.
  - destruct (Fd.get t' n) as [entry|e'] eqn:E'; [|by rewrite (Fd.get_err _ _ _ E), (Fd.get_err _ _ _ E')].
    apply get_is_open in E' as (j & -> & Hj). apply H in Hj; [|done]. by destruct (not_open_if_refused _ _ _ E j entry eq_refl).
Qed.

(** A descriptor opened over an operation [open] that leaves the process and
    the cells alone: the machine takes steps it has, nothing of the
    reservation is left behind by a failure. *)
Lemma open_descriptor_ok z M m mem kind flags path fd_flags (open : op (AcceptState F) Z) (Q : SocketTable F -> SharedBacklogTable -> result Z -> Prop) st :
  machine_ok M -> procs M !! pid = Some m -> retry_tables (a_proc st) = tables m -> a_cells st = world M -> last_ofd_id (world M) < u64_max ->
  (forall p w, exists st' r, open (mkAcceptState p (a_sockets st) w (a_backlogs st)) = Some (st', r)
     /\ a_proc st' = p /\ a_cells st' = w /\ Q (a_sockets st') (a_backlogs st') r) ->
  exists st' r, open_descriptor pid (fd_slot z) (ofd_slot z) mem kind flags path fd_flags open st = Some (st', r)
    /\ retries (a_proc st') = retries (a_proc st) /\ rtc (machine_step z) M (machine_with M m st')
    /\ match r with
       | Ok n => exists h, Q (a_sockets st') (a_backlogs st') (Ok h) /\ new_descriptor kind fd_flags h st st' n
       | Err e => (forall n, Fd.get (fds_of st') n = Fd.get (fds_of st) n)
           /\ (a_sockets st' = a_sockets st /\ a_backlogs st' = a_backlogs st \/ Q (a_sockets st') (a_backlogs st') (Err e))
       end.
Proof.
  intros HM Hp Ht Hw Hl Hopen. destruct (machine_member _ _ _ HM Hp) as [Hm Hok]. set (R := procs_keys (delete pid (procs M))) in *.
  unfold open_descriptor, op_bind at 1, on_proc at 1. rewrite Ht, Hw.
  destruct (prepare_descriptor_spec pid R m (world M) Hm Hok (fd_slot z) (ofd_slot z) mem kind flags path Hl) as ([w1 p1] & r1 & Hrun & H1).
  pose proof (step_prepare z pid m mem kind flags path M _ _ Hp Hl Hrun) as Hstep. rewrite Hrun. cbn [fst snd] in *. destruct r1 as [d|e].
  2: { eexists _, (Err e). split; [done|]. split; [done|]. destruct H1 as (_ & _ & Hv). split; [by apply rtc_once|]. split; [|by left].
       intros n. unfold fds_of. cbn [a_proc retry_tables]. rewrite Ht. apply get_open_ext. intros j entry _. by rewrite Hv. }
  destruct H1 as (Hm1 & _ & _ & _ & _ & [Hok1 _ _] & _ & Hv1 & Hkind). set (m1 := mkMember p1 (DescInv.pins m) (d :: outstanding m)) in *.
  set (M1 := mkMachine w1 (<[pid := m1]> (procs M))) in *. assert (procs M1 !! pid = Some m1) as Hp1 by apply lookup_insert_eq.
  unfold op_match. destruct (Hopen (mkRetryProc p1 (retries (a_proc st))) w1) as (st2 & r & -> & E1 & E2 & HQ). destruct r as [h|e].
  - destruct (publish_descriptor_spec pid R m1 w1 Hm1 Hok1 [] d (outstanding m) h fd_flags eq_refl) as (p2 & Hpub & Hev & j & Hd & Hu & Htu).
    pose proof (step_publish z pid m1 [] d (outstanding m) h fd_flags M1 _ _ Hp1 eq_refl Hpub) as Hstep2.
    unfold on_proc. rewrite E1, E2. cbn [retry_tables retries]. cbn [tables m1] in Hpub. rewrite Hpub. eexists _, _. split; [done|]. split; [done|]. split.
    { eapply rtc_l; [exact Hstep|]. apply rtc_once. unfold machine_with. cbn [a_cells a_proc retry_tables]. cbn [M1 procs world fst snd app] in Hstep2.
      by rewrite insert_insert_eq in Hstep2. }
    exists h. split; [done|]. unfold new_descriptor, fds_of, ofds_of. cbn [a_proc retry_tables]. rewrite Ht. unfold fds, ofds in Hu, Htu. cbn [tables m1] in Hu, Htu.
    assert (view (fd_table p1) j = Fd.Reserved) as Hj by (apply (mo_fds _ _ Hm1); left; exact Hd).
    split_and!.
    + destruct (Fd.get (fd_table (tables m)) (fd d)) as [entry|e'] eqn:Eg; [|by rewrite (Fd.get_err _ _ _ Eg)].
      apply get_is_open in Eg as (j' & Hd' & Hv). rewrite Hd in Hd'. apply Nat2Z.inj in Hd' as <-. apply Hv1 in Hv. congruence.
    + exists (index (ofd d)). eexists. split_and!.
      * apply get_is_open. exists j. split; [done|]. by rewrite (upd_view _ _ _ _ Hu), decide_True.
      * apply get_tview. by rewrite (tview_same _ _ _ _ Htu).
      * exact Hkind.
      * done.
    + intros n' Hn. apply get_open_ext. intros k entry ->. rewrite (upd_view _ _ _ _ Hu). case_decide as E; [by subst k|apply Hv1].
  - destruct (cancel_descriptor_spec pid R m1 w1 Hm1 Hok1 [] d (outstanding m) eq_refl) as (p2 & Hc & Hev & Hv2).
    pose proof (step_cancel z pid m1 [] d (outstanding m) M1 _ _ Hp1 eq_refl Hc) as Hstep2.
    unfold op_bind, on_proc. rewrite E1, E2. cbn [retry_tables retries]. cbn [tables m1] in Hc. rewrite Hc. eexists _, (Err e). split; [done|]. split; [done|]. split.
    { eapply rtc_l; [exact Hstep|]. apply rtc_once. unfold machine_with. cbn [a_cells a_proc retry_tables]. cbn [M1 procs world fst snd app] in Hstep2.
      by rewrite insert_insert_eq in Hstep2. }
    split; [|by right]. intros n. unfold fds_of. cbn [a_proc retry_tables]. rewrite Ht. apply get_open_ext. intros j entry _. rewrite (Hv2 j entry). apply Hv1.
Qed.

(** ** Accept *)

(** The number [fd] names, directly or for a blocked call, the listening socket
    [idx]; handles are those of sockets, [-1] for slot 0 and down. *)
Definition listens (fd : Z) st (idx : nat) : Prop :=
  exists k o l, resolve_io_ofd fd (a_proc st) = Ok k /\ Ofd.get (ofds_of st) k = Some o /\ file_type o = Ofd.Socket
    /\ (- 2 ^ 32 <= host_handle o < 0 -> host_handle o = socket_handle idx)
    /\ Socket.get (a_sockets st) idx = Some l /\ sock_type l = SockStream /\ state l = Listening.
Definition accept_outcome z M m (fd : Z) st st' (r : result Z) : Prop :=
  retries (a_proc st') = retries (a_proc st) /\ rtc (machine_step z) M (machine_with M m st') /\ sockets_ok (a_sockets st')
  /\ match r with
     | Ok n => exists idx i, listens fd st idx /\ delivered idx st st' i /\ new_descriptor Ofd.Socket 0 (socket_handle i) st st' n
     | Err _ => a_backlogs st' = a_backlogs st /\ same_sockets (a_sockets st) (a_sockets st')
         /\ forall n, Fd.get (fds_of st') n = Fd.get (fds_of st) n
     end.

(** C13. Accept loses no connection. In every reachable machine, whatever its
    allocations meet, an accept returns without panicking and takes only steps
    of the descriptor machine. If it fails, the queues, the sockets and every
    descriptor of the process are as they were. If it succeeds, one number
    that was free names a new socket description whose handle is the socket
    that got the listener's oldest connection, with the connection's pipes and
    the two ports, and no other number changed. *)
Theorem accept_loses_no_connection z M m mem fd st : rtc (machine_step z) boot M -> procs M !! pid = Some m ->
  retry_tables (a_proc st) = tables m -> a_cells st = world M -> sockets_ok (a_sockets st) -> last_ofd_id (world M) < u64_max ->
  (forall i o, Ofd.get (ofd_table (tables m)) i = Some o -> host_handle o < i64_max) ->
  exists st' r, sys_accept pid (fd_slot z) (ofd_slot z) size_of_socket_slot mem fd st = Some (st', r) /\ accept_outcome z M m fd st st' r.
Proof.
  intros HM%reachable_machine_ok Hp Ht Hw Hs Hl Hh.
  assert (forall e : Errno, exists st' r, Some (st, Err (A := Z) e) = Some (st', r) /\ accept_outcome z M m fd st st' r) as Hrefused.
  { intros e. eexists _, _. split; [done|]. split_and!; try done. unfold machine_with. rewrite Hw, Ht, insert_id by (rewrite Hp; by destruct m). by destruct M. }
  unfold sys_accept. destruct (resolve_io_ofd fd (a_proc st)) as [k|e] eqn:Er; [|apply Hrefused]. rewrite Ht.
  destruct (Ofd.get (ofd_table (tables m)) k) as [o|] eqn:Eo; [|apply Hrefused].
  destruct (negb (bool_decide (file_type o = _))) eqn:Ef; [apply Hrefused|]. apply negb_false_iff, bool_decide_eq_true in Ef.
  rewrite (proj2 (Z.eqb_neq (host_handle o) i64_max)) by (specialize (Hh k o Eo); lia). set (idx := Z.to_nat _).
  destruct (Socket.get (a_sockets st) idx) as [l|] eqn:El; [|apply Hrefused].
  destruct (negb (bool_decide (sock_type l = _))) eqn:Est; [apply Hrefused|]. destruct (negb (bool_decide (state l = _))) eqn:Esl; [apply Hrefused|].
  apply negb_false_iff, bool_decide_eq_true in Est, Esl.
  assert (listens fd st idx) as Hlisten.
  { exists k, o, l. unfold ofds_of. rewrite Ht. split_and!; try done. intros Hr. subst idx. unfold socket_handle. rewrite Z.mod_small by lia. lia. }
  set (Q t b (r : result Z) := accept_post idx st (mkAcceptState (a_proc st) t (a_cells st) b) r).
  destruct (open_descriptor_ok z M m (descriptor_memory mem) Ofd.Socket O_RDWR dev_socket 0 (accept_connection pid size_of_socket_slot mem idx) Q st
    HM Hp Ht Hw Hl) as (st' & r & Hrun & Hr & Hsteps & H).
  { intros p w. destruct (accept_connection_ok mem idx (mkAcceptState p (a_sockets st) w (a_backlogs st)) Hs) as (st' & r & Hrun & P1 & P2 & P3 & P4).
    exists st', r. by split_and!. }
  exists st', r. split; [exact Hrun|]. split; [done|]. split; [done|]. destruct r as [n|e].
  - destruct H as (h & (_ & _ & Hs' & i & -> & Hd) & Hnew). split; [done|]. by exists idx, i.
  - destruct H as [Hfds [[-> ->]|(_ & _ & Hs' & Hb & Hsame)]]; by split_and!.
Qed.
End Accept.

(** ** Witness *)

(** Descriptor 0 is a listening socket with one connection in its queue. *)
Definition listen_prepare : op ProcState PreparedDescriptor := prepare_descriptor 1 12 200 witness_open Ofd.Socket O_RDWR dev_socket.
Definition listen_descriptor : PreparedDescriptor := DescThms.answer witness_start listen_prepare witness_descriptor.
Definition listen_prepared : ProcState := DescThms.after witness_start listen_prepare.
Definition listen_published : ProcState := DescThms.after listen_prepared (publish_descriptor 1 listen_descriptor (-1) 0).
Definition listen_member2 : Member := mkMember (snd listen_prepared) [] [listen_descriptor].
Definition listen_member : Member := mkMember (snd listen_published) [] [].
Definition listen_machine2 : Machine := mkMachine (fst listen_prepared) (<[1 := listen_member2]> (procs witness_machine1)).
Definition listen_machine : Machine := mkMachine (fst listen_published) (<[1 := listen_member]> (procs listen_machine2)).
Definition listen_socket : SocketInfo unit :=
  mkSocket None Inet SockStream 0 Listening (mkLink None None None false false None true) (mkOptions new 0 0 None new 0 0 new)
    (mkNames zero4 zero6 8080 zero4 None zero6 0 None None) (mkListener (Some 0%nat) None) nothing_queued.
Definition listen_state : AcceptState unit :=
  mkAcceptState (mkRetryProc (snd listen_published) no_retries) (mkSockets (mkIoBuffer [Some listen_socket] 4)) (fst listen_published) wb4.
Definition accept_memory : AcceptMemory := mkAcceptMemory witness_open witness_mem witness_mem witness_mem.

Lemma listen_machine_reachable : rtc (machine_step witness_sizes) boot listen_machine.
Proof.
  apply (rtc_l _ _ witness_machine1); [exact (step_start witness_sizes 1 boot eq_refl)|]. apply (rtc_l _ _ listen_machine2); [|apply rtc_once].
  - refine (step_prepare witness_sizes 1 witness_member1 witness_open Ofd.Socket O_RDWR dev_socket witness_machine1 listen_prepared (Ok listen_descriptor) _ _ _);
      [apply lookup_insert_eq|vm_compute; reflexivity|vm_compute; reflexivity].
  - refine (step_publish witness_sizes 1 listen_member2 [] listen_descriptor [] (-1) 0 listen_machine2 listen_published (Ok 0) _ _ _);
      [apply lookup_insert_eq|reflexivity|vm_compute; reflexivity].
Qed.

Lemma accept_loses_no_connection_witness :
  exists st' i, sys_accept 1 12 200 600 accept_memory 0 listen_state = Some (st', Ok 1) /\ delivered 0 listen_state st' i
    /\ new_descriptor Ofd.Socket 0 (socket_handle i) listen_state st' 1.
Proof.
  destruct (accept_loses_no_connection 1 600 witness_sizes listen_machine listen_member accept_memory 0 listen_state) as (st' & r & Hrun & _ & _ & _ & H).
  - exact listen_machine_reachable.
  - apply lookup_insert_eq.
  - reflexivity.
  - reflexivity.
  - vm_compute. discriminate.
  - vm_compute. reflexivity.
  - intros [|[|i]] o Ho; vm_compute in Ho; try discriminate Ho. injection Ho as <-. vm_compute. reflexivity.
  - exists st'. assert (r = Ok 1) as -> by (vm_compute in Hrun; congruence). destruct H as (idx & i & (k & o & l & Hk & Ho & _ & Hh & _) & Hd & Hn).
    exists i. split; [exact Hrun|]. split; [|exact Hn]. assert (k = 0%nat) as -> by (vm_compute in Hk; congruence). vm_compute in Ho. injection Ho as <-.
    cbn [host_handle] in Hh. unfold socket_handle in Hh. assert (idx = 0%nat) as -> by lia. exact Hd.
Defined.
