(* ===== verification/ReadCache.v ===== *)
(** * Verified reads (crates/runtime-core/src/verified_read_cache.rs)

    Files of an overlay are read through a cache that keeps, for a few files,
    the digests of their chunks and, for a few chunks, their bytes. A chunk is
    kept only if its SHA-256 digest is the one its file has for it. The digest
    function, of the crate sha2, is the parameter [sha256]. *)

From S2P Require Import Prelude IoBuffer.

Definition CHUNK_BYTES : Z := 1048576.
Definition MAX_TABLE_BYTES : Z := 8388608.
Definition MAX_FILES : Z := 64.
Definition MAX_CHUNKS : Z := 4.

Abbreviation Hash := (list Z).

Record VerifiedFile : Type := mkVerified { v_key : Z; v_digest : Hash; v_size : Z; v_chunks : IoBuffer Hash }.
Record CachedChunk : Type := mkCached { c_key : Z; c_chunk : Z; c_bytes : IoBuffer Z }.
Record VerifiedReadCache : Type := mkCache { files : IoBuffer VerifiedFile; chunks : IoBuffer CachedChunk }.

Section Cache.
Variable sha256 : list Z -> Hash.
Variable size_of_file size_of_chunk : Z.   (** [size_of] of the two records *)

Definition new_cache : VerifiedReadCache := mkCache new new.

Definition retain {A} (p : A -> bool) (b : IoBuffer A) : IoBuffer A := mkIoBuffer (List.filter p (values b)) (capacity b).
Definition remove {A} (i : nat) (b : IoBuffer A) : IoBuffer A := mkIoBuffer (remove_at i (values b)) (capacity b).

(** The sum of [capacity * 32], an overflow of which would panic. *)
Definition table_bytes (c : VerifiedReadCache) : option Z :=
  fold_left (fun acc f =>
    match acc, checked_mul usize_max (capacity (v_chunks f)) 32 with
    | Some a, Some b => checked_add usize_max a b
    | _, _ => None
    end) (values (files c)) (Some 0).

Definition invalidate (key : Z) (c : VerifiedReadCache) : VerifiedReadCache :=
  mkCache (retain (fun f => negb (v_key f =? key)) (files c)) (retain (fun e => negb (c_key e =? key)) (chunks c)).

Definition retain_file (key : option Z) (c : VerifiedReadCache) : VerifiedReadCache :=
  mkCache (retain (fun f => bool_decide (Some (v_key f) = key)) (files c)) (clear (chunks c)).

Definition div_ceil (n d : Z) : Z := (n + d - 1) / d.

(** [self.files.len() >= MAX_FILES || self.table_bytes() + needed > MAX_TABLE_BYTES]. *)
Definition over_budget (needed : Z) (c : VerifiedReadCache) : option bool :=
  if MAX_FILES <=? len (files c) then Some true
  else match table_bytes c with
  | None => None
  | Some used => option_map (fun total => MAX_TABLE_BYTES <? total) (checked_add usize_max used needed)
  end.

(** The oldest files go until there is room for [needed] bytes of digests. The
    loop takes one file each time round. *)
Fixpoint make_room (fuel : nat) (needed : Z) : op VerifiedReadCache unit :=
  match fuel with
  | O => op_panic
  | S fuel => fun c =>
      match over_budget needed c with
      | None => None
      | Some false => Some (c, Ok tt)
      | Some true =>
          match values (files c) with
          | [] => Some (c, Err EIO)
          | f :: _ => make_room fuel needed (invalidate (v_key f) c)
          end
      end
  end.
Definition make_room_for (needed : Z) : op VerifiedReadCache unit := fun c => make_room (S (length (values (files c)))) needed c.

(** What the allocator answers changes as memory is given back: attempt [k]
    meets [mem k]. *)
Fixpoint allocate_hashes (fuel k : nat) (mem : nat -> Memory) (count : Z) : op VerifiedReadCache (option (IoBuffer Hash)) :=
  match fuel with
  | O => op_panic
  | S fuel => fun c =>
      match allocate_io 32 (mem k) count with
      | Ok hashes => Some (c, Ok (Some hashes))
      | Err ENOMEM =>
          match values (files c) with
          | [] => Some (c, Ok None)
          | f :: _ => allocate_hashes fuel (S k) mem count (invalidate (v_key f) c)
          end
      | Err e => Some (c, Err e)
      end
  end.

Definition prepare (mem : nat -> Memory) (key size : Z) : op VerifiedReadCache (option (IoBuffer Hash)) :=
  do! _ <- op_modify (invalidate key);
  let count := div_ceil size CHUNK_BYTES in
  if MAX_TABLE_BYTES / 32 <? count then op_ret None
  else
    do! _ <- make_room_for (count * 32);
    fun c => allocate_hashes (S (length (values (files c)))) 0 mem count c.

Definition another_file (key : Z) (f : VerifiedFile) : bool := negb (v_key f =? key).

Fixpoint allocate_chunk_loop (fuel k : nat) (mem : nat -> Memory) (key length : Z) : op VerifiedReadCache (IoBuffer Z) :=
  match fuel with
  | O => op_panic
  | S fuel => fun c =>
      match allocate_io 1 (mem k) length with
      | Ok bytes =>
          match resize length 0 bytes with
          | Some (b, _) => Some (c, Ok b)
          | None => None
          end
      | Err e =>
          if negb (bool_decide (e = ENOMEM)) then Some (c, Err e)
          else match values (chunks c) with
          | _ :: _ => allocate_chunk_loop fuel (S k) mem key length (mkCache (files c) (remove 0 (chunks c)))
          | [] =>
              match List.find (another_file key) (values (files c)) with
              | Some victim => allocate_chunk_loop fuel (S k) mem key length (invalidate (v_key victim) c)
              | None => Some (c, Err e)
              end
          end
      end
  end.
Definition allocate_chunk (mem : nat -> Memory) (key n : Z) : op VerifiedReadCache (IoBuffer Z) := fun c =>
  if CHUNK_BYTES <? n then Some (c, Err EINVAL)
  else allocate_chunk_loop (S (length (values (chunks c)) + length (values (files c)))) 0 mem key n c.

Definition on_files {A} (m : op (IoBuffer VerifiedFile) A) : op VerifiedReadCache A := fun c =>
  match m (files c) with Some (b, r) => Some (mkCache b (chunks c), r) | None => None end.
Definition on_chunks {A} (m : op (IoBuffer CachedChunk) A) : op VerifiedReadCache A := fun c =>
  match m (chunks c) with Some (b, r) => Some (mkCache (files c) b, r) | None => None end.

(** A table that has no memory yet gets all it will ever need. *)
Definition first_allocation {A} (size : Z) (mem : Memory) (n : Z) : op (IoBuffer A) unit := fun b =>
  if capacity b =? 0 then
    match allocate_io size mem n with Ok b' => Some (b', Ok tt) | Err e => Some (b, Err e) end
  else Some (b, Ok tt).

Definition install (mem : Memory) (key : Z) (digest : Hash) (size : Z) (hashes : IoBuffer Hash) : op VerifiedReadCache unit :=
  if negb (len hashes =? div_ceil size CHUNK_BYTES) || (MAX_TABLE_BYTES / 32 <? capacity hashes) then op_err EINVAL
  else
    do! _ <- op_modify (invalidate key);
    do! _ <- make_room_for (capacity hashes * 32);
    do! _ <- on_files (first_allocation size_of_file mem MAX_FILES);
    on_files (push (mkVerified key digest size hashes)).

Definition same_file (key : Z) (digest : Hash) (size : Z) (f : VerifiedFile) : bool :=
  (v_key f =? key) && bool_decide (v_digest f = digest) && (v_size f =? size).

(** The file that is asked for becomes the youngest. *)
Definition chunk_digest (key : Z) (digest : Hash) (size chunk : Z) : op VerifiedReadCache (option Hash) := fun c =>
  match position (same_file key digest size) (values (files c)) with
  | None => Some (c, Ok None)
  | Some index =>
      match values (files c) !! index with
      | None => None
      | Some f =>
          match values (v_chunks f) !! Z.to_nat chunk with
          | None => Some (c, Ok None)
          | Some result =>
              (do! _ <- on_files (op_modify (remove index));
               do! _ <- on_files (push f);
               op_ret (Some result)) c
          end
      end
  end.

Definition same_chunk (key chunk : Z) (e : CachedChunk) : bool := (c_key e =? key) && (c_chunk e =? chunk).

(** The target after the call, and how many bytes of it were set. *)
Definition copy_at (key : Z) (digest : Hash) (size offset : Z) (target : list Z) : op VerifiedReadCache (list Z * option Z) :=
  let chunk := offset / CHUNK_BYTES in
  if usize_max <? chunk then op_ret (target, None)
  else
    do! found <- chunk_digest key digest size chunk;
    match found with
    | None => op_ret (target, None)
    | Some _ => fun c =>
        match position (same_chunk key chunk) (values (chunks c)) with
        | None => Some (c, Ok (target, None))
        | Some index =>
            match values (chunks c) !! index with
            | None => None
            | Some page =>
                let c1 := mkCache (files c) (remove index (chunks c)) in
                let start := offset mod CHUNK_BYTES in
                match checked_sub (len (c_bytes page)) start with
                | None => Some (c1, Ok (target, None))
                | Some rest =>
                    let count := Z.min (lenZ target) rest in
                    (do! _ <- on_chunks (push page);
                     op_ret (take (Z.to_nat count) (drop (Z.to_nat start) (values (c_bytes page))) ++ drop (Z.to_nat count) target,
                             Some count)) c1
                end
            end
        end
    end.

(** The least recently used chunk makes place for a new one. *)
Definition drop_oldest (b : IoBuffer CachedChunk) : IoBuffer CachedChunk :=
  if len b =? MAX_CHUNKS then remove 0 b else b.

Definition install_chunk (mem : Memory) (key : Z) (digest : Hash) (size chunk : Z) (bytes : IoBuffer Z) : op VerifiedReadCache unit :=
  do! found <- chunk_digest key digest size chunk;
  do! expected <- op_lift (ok_or found EIO);
  do! start <- op_lift (ok_or (checked_mul u64_max chunk CHUNK_BYTES) EIO);
  do! rest <- op_lift (ok_or (checked_sub size start) EIO);
  let length := Z.min rest CHUNK_BYTES in
  if negb (len bytes =? length) || (CHUNK_BYTES <? capacity bytes) || negb (bool_decide (sha256 (values bytes) = expected)) then
    do! _ <- op_modify (invalidate key);
    op_err EIO
  else
    do! _ <- on_chunks (op_modify (fun b => drop_oldest (retain (fun e => negb (same_chunk key chunk e)) b)));
    do! _ <- on_chunks (first_allocation size_of_chunk mem MAX_CHUNKS);
    on_chunks (push (mkCached key chunk bytes)).
End Cache.
