(* ===== verification/ReadCacheThms.v ===== *)
(** * Verified reads: theorems

    Whatever is installed, evicted and read, the cache stays within its limits
    and a read returns only bytes whose digest is the one the file has for
    them. *)

From S2P Require Import Prelude IoBuffer ReadCache.

Section Cache.
Context (sha256 : list Z -> Hash) (size_of_file size_of_chunk : Z).
Implicit Types (c : VerifiedReadCache) (f : VerifiedFile) (e : CachedChunk).

(** ** The invariant *)

Definition table_sum (fs : list VerifiedFile) : Z := foldr (fun f n => capacity (v_chunks f) * 32 + n) 0 fs.

(** The length of chunk [k] of a file of so many bytes. *)
Definition chunk_length (size k : Z) : Z := Z.min (size - k * CHUNK_BYTES) CHUNK_BYTES.

(** The bytes of [e] are what its file says they are. *)
Definition verified (fs : list VerifiedFile) e : Prop :=
  exists f, In f fs /\ v_key f = c_key e /\ 0 <= c_chunk e
    /\ values (v_chunks f) !! Z.to_nat (c_chunk e) = Some (sha256 (values (c_bytes e)))
    /\ len (c_bytes e) = chunk_length (v_size f) (c_chunk e).

Definition file_ok f : Prop := len (v_chunks f) = div_ceil (v_size f) CHUNK_BYTES /\ buf_ok (v_chunks f) /\ capacity (v_chunks f) <= MAX_TABLE_BYTES / 32.

(** A table that was allocated has all the room it will ever need. *)
Definition table_ok {A} (n : Z) (b : IoBuffer A) : Prop := len b <= n /\ (capacity b = 0 /\ values b = [] \/ n <= capacity b).

Record cache_ok c : Prop := {
  co_files : table_ok MAX_FILES (files c);
  co_chunks : table_ok MAX_CHUNKS (chunks c);
  co_file : Forall file_ok (values (files c));
  co_keys : NoDup (map v_key (values (files c)));
  co_table : table_sum (values (files c)) <= MAX_TABLE_BYTES;
  co_once : NoDup (map (fun e => (c_key e, c_chunk e)) (values (chunks c)));
  co_verified : Forall (verified (values (files c))) (values (chunks c)) }.

Lemma new_cache_ok : cache_ok new_cache.
Proof. split; simpl; try (by constructor); try (split; [by vm_compute|by left]). by vm_compute. Qed.

Lemma file_capacity f : file_ok f -> 0 <= capacity (v_chunks f).
Proof. intros (_ & H & _). unfold buf_ok, len in H. lia. Qed.

Lemma table_sum_nonneg fs : Forall file_ok fs -> 0 <= table_sum fs.
Proof. induction 1 as [|f fs Hf _ IH]; simpl; [lia|]. pose proof (file_capacity f Hf). lia. Qed.

Lemma table_sum_perm fs fs' : fs ≡ₚ fs' -> table_sum fs = table_sum fs'.
Proof. induction 1; simpl; lia. Qed.

Lemma table_sum_sublist fs fs' : Forall file_ok fs -> fs' ⊆+ fs -> table_sum fs' <= table_sum fs.
Proof.
  intros Hf (rest & Hp)%submseteq_Permutation. rewrite Hp in Hf. rewrite (table_sum_perm _ _ Hp). apply Forall_app in Hf as [_ Hr].
  pose proof (table_sum_nonneg _ Hr) as Hn. revert Hn. clear Hp. induction fs' as [|f fs' IH]; simpl; [lia|]. intros Hn. specialize (IH Hn). lia.
Qed.

Lemma table_bytes_spec c : cache_ok c -> table_bytes c = Some (table_sum (values (files c))).
Proof.
  intros Hc. unfold table_bytes. enough (forall fs a, Forall file_ok fs -> 0 <= a -> a + table_sum fs <= MAX_TABLE_BYTES ->
    fold_left (fun acc f => match acc, checked_mul usize_max (capacity (v_chunks f)) 32 with Some a, Some b => checked_add usize_max a b | _, _ => None end) fs (Some a)
    = Some (a + table_sum fs)) as H.
  { apply (H _ 0); [apply Hc|lia|]. pose proof (co_table _ Hc). lia. }
  assert (MAX_TABLE_BYTES < usize_max) as Hmax by (by vm_compute).
  induction fs as [|f fs IH]; intros a Hf Ha Hs; cbn [fold_left table_sum foldr] in *; [f_equal; lia|]. apply Forall_cons in Hf as [Hf Hfs].
  pose proof (file_capacity f Hf) as Hcap. pose proof (table_sum_nonneg _ Hfs) as Hn. unfold table_sum in Hn.
  split_checked Hx; [|lia]. split_checked Hy; [|lia]. rewrite IH; [f_equal; unfold table_sum; lia|done|lia|unfold table_sum; lia].
Qed.

Lemma NoDup_map_sub {A B} (g : A -> B) l l' : l ⊆+ l' -> NoDup (map g l') -> NoDup (map g l).
Proof. intros (k & Hp)%submseteq_Permutation. rewrite Hp, map_app. by intros (? & _ & _)%NoDup_app. Qed.

Lemma NoDup_map_unique {A B} (g : A -> B) l x y : NoDup (map g l) -> In x l -> In y l -> g x = g y -> x = y.
Proof.
  intros Hn [i Hi]%list_elem_of_In%list_elem_of_lookup [j Hj]%list_elem_of_In%list_elem_of_lookup E.
  assert (i = j) as ->; [|congruence]. eapply (NoDup_lookup (map g l)); [done| |]; rewrite list_lookup_fmap, ?Hi, ?Hj; simpl; [done|by rewrite E].
Qed.

(** Fewer files and fewer chunks, no chunk without its file. *)
Lemma shrink_cache_ok c fs cs : cache_ok c -> fs ⊆+ values (files c) -> cs ⊆+ values (chunks c) ->
  (forall e f, In e cs -> In f (values (files c)) -> v_key f = c_key e -> In f fs) ->
  cache_ok (mkCache (mkIoBuffer fs (capacity (files c))) (mkIoBuffer cs (capacity (chunks c)))).
Proof.
  intros [H1 H2 H3 H4 H5 H6 H7] Hfs Hcs Hin. pose proof (submseteq_length _ _ Hfs) as L1. pose proof (submseteq_length _ _ Hcs) as L2.
  assert (forall A (n : Z) (b : IoBuffer A) l, table_ok n b -> l ⊆+ values b -> table_ok n (mkIoBuffer l (capacity b))) as Htab.
  { intros A n b l [T1 T2] Hl. pose proof (submseteq_length _ _ Hl). unfold table_ok, len in *. simpl. split; [lia|].
    destruct T2 as [[T2 T3]|T2]; [left|by right]. rewrite T3 in Hl. split; [done|]. by apply submseteq_nil_r in Hl. }
  split; cbn [files chunks values].
  - by apply Htab.
  - by apply Htab.
  - apply Forall_forall. intros f Hf. eapply Forall_forall in H3; [exact H3|]. by eapply elem_of_submseteq.
  - by eapply NoDup_map_sub.
  - pose proof (table_sum_sublist _ _ H3 Hfs). lia.
  - by eapply NoDup_map_sub.
  - apply Forall_forall. intros e He. eapply Forall_forall in H7; [|by eapply elem_of_submseteq]. destruct H7 as (f & Hf & Hk & Hr).
    exists f. split; [|done]. apply (Hin e f); [by apply list_elem_of_In|done|done].
Qed.

Lemma filter_submseteq {A} (p : A -> bool) l : List.filter p l ⊆+ l.
Proof. induction l as [|x l IH]; simpl; [done|]. destruct (p x); [by apply submseteq_skip|by apply submseteq_cons]. Qed.

Lemma invalidate_ok key c : cache_ok c -> cache_ok (invalidate key c).
Proof.
  intros Hc. apply shrink_cache_ok; [done|apply filter_submseteq..|]. intros e f [_ He]%filter_In Hf Hk. apply filter_In. split; [done|]. by rewrite Hk.
Qed.

Lemma retain_file_ok key c : cache_ok c -> cache_ok (retain_file key c).
Proof. intros Hc. apply shrink_cache_ok; [done|apply filter_submseteq|apply submseteq_nil_l|]. intros e f []. Qed.

(** The same files in another order. *)
Lemma reorder_ok c fs : cache_ok c -> fs ≡ₚ values (files c) -> cache_ok (mkCache (mkIoBuffer fs (capacity (files c))) (chunks c)).
Proof.
  intros Hc Hp. destruct c as [F [cs cap]]. simpl in *. apply (shrink_cache_ok (mkCache F (mkIoBuffer cs cap))); simpl; [done|by rewrite Hp|done|].
  intros e f _ Hf _. apply list_elem_of_In. rewrite Hp. by apply list_elem_of_In.
Qed.
Lemma reorder_chunks_ok c cs : cache_ok c -> cs ≡ₚ values (chunks c) -> cache_ok (mkCache (files c) (mkIoBuffer cs (capacity (chunks c)))).
Proof. intros Hc Hp. destruct c as [[fs cap] C]. simpl in *. apply (shrink_cache_ok (mkCache (mkIoBuffer fs cap) C)); simpl; [done|done|by rewrite Hp|done]. Qed.

Lemma forget_chunk_ok c i : cache_ok c -> cache_ok (mkCache (files c) (remove i (chunks c))).
Proof.
  intros Hc. destruct c as [[fs cap] C]. apply (shrink_cache_ok (mkCache (mkIoBuffer fs cap) C)); simpl; [done|done| |done].
  unfold remove_at. rewrite <- (take_drop i (values C)) at 3. apply submseteq_app; [done|].
  replace (S i) with (i + 1)%nat by lia. rewrite <- drop_drop. apply sublist_submseteq, sublist_drop.
Qed.
(** ** The operations *)

Lemma evict_fewer c f : In f (values (files c)) -> (length (values (files (invalidate (v_key f) c))) < length (values (files c)))%nat.
Proof.
  intros (l1 & l2 & Hl)%in_split. simpl. rewrite Hl, List.filter_app, !length_app. simpl. rewrite Z.eqb_refl. simpl.
  set (p := fun g : VerifiedFile => _). pose proof (submseteq_length _ _ (filter_submseteq p l1)). pose proof (submseteq_length _ _ (filter_submseteq p l2)). lia.
Qed.

Lemma invalidated_files key c f : In f (values (files (invalidate key c))) -> In f (values (files c)) /\ v_key f <> key.
Proof. simpl. intros [Hf Hk]%filter_In. split; [done|]. intros E. by rewrite E, Z.eqb_refl in Hk. Qed.

Lemma over_budget_spec needed c : cache_ok c -> 0 <= needed <= MAX_TABLE_BYTES ->
  exists b, over_budget needed c = Some b /\ (b = false -> len (files c) < MAX_FILES /\ table_sum (values (files c)) + needed <= MAX_TABLE_BYTES)
    /\ (b = true -> values (files c) <> []).
Proof.
  intros Hc Hn. unfold over_budget. destruct (Z.leb_spec MAX_FILES (len (files c))) as [Hl|Hl].
  { exists true. split_and!; [done|done|]. intros _ E. unfold len in Hl. by rewrite E in Hl. }
  rewrite (table_bytes_spec _ Hc). pose proof (co_table _ Hc). assert (2 * MAX_TABLE_BYTES < usize_max) by (by vm_compute).
  split_checked Hx; [|lia]. simpl. eexists. split; [done|]. destruct (Z.ltb_spec MAX_TABLE_BYTES (table_sum (values (files c)) + needed)); split; try done.
  intros _ E. rewrite E in *. cbn [table_sum foldr] in *. lia.
Qed.

Lemma make_room_ok fuel needed c : cache_ok c -> 0 <= needed <= MAX_TABLE_BYTES -> (length (values (files c)) < fuel)%nat ->
  exists c', make_room fuel needed c = Some (c', Ok tt) /\ cache_ok c' /\ len (files c') < MAX_FILES
    /\ table_sum (values (files c')) + needed <= MAX_TABLE_BYTES /\ (forall f, In f (values (files c')) -> In f (values (files c))).
Proof.
  revert c. induction fuel as [|fuel IH]; intros c Hc Hn Hf; [lia|]. simpl. destruct (over_budget_spec needed c Hc Hn) as (b & -> & B1 & B2).
  destruct b; [|destruct (B1 eq_refl); by exists c]. destruct (values (files c)) as [|f rest] eqn:Ev; [by destruct (B2 eq_refl)|].
  destruct (IH (invalidate (v_key f) c)) as (c' & Hrun & H1 & H2 & H3 & H4); [by apply invalidate_ok|done| |].
  { pose proof (evict_fewer c f) as He. rewrite Ev in He. specialize (He (in_eq _ _)). lia. }
  exists c'. split_and!; try done. intros g Hg. rewrite <- Ev. by apply H4, invalidated_files in Hg as [? _].
Qed.

Lemma allocated_empty {A} size mem n (b : IoBuffer A) : allocate_io size mem n = Ok b -> values b = [] /\ n <= capacity b.
Proof.
  unfold allocate_io. repeat first [destruct (admitted_bytes _ _); [|done] | destruct (negb _); [done|]]. destruct (allocate mem n) as [actual|]; [|done]. simpl.
  destruct (Z.ltb_spec actual n); [done|]. destruct (admitted_bytes _ _); [|done]. destruct (negb _); [done|]. by intros [= <-].
Qed.

Lemma allocate_hashes_ok fuel k mem count c : cache_ok c -> (length (values (files c)) < fuel)%nat ->
  exists c' r, allocate_hashes fuel k mem count c = Some (c', r) /\ cache_ok c'.
Proof.
  revert k c. induction fuel as [|fuel IH]; intros k c Hc Hf; [lia|]. simpl. destruct (allocate_io 32 (mem k) count) as [b|e]; [by eexists _, _|].
  destruct (decide (e = ENOMEM)) as [->|He]; [|destruct e; try done; by eexists _, _].
  destruct (values (files c)) as [|f rest] eqn:Ev; [by eexists _, _|]. apply IH; [by apply invalidate_ok|].
  pose proof (evict_fewer c f) as He. rewrite Ev in He. specialize (He (in_eq _ _)). lia.
Qed.

Lemma prepare_digests_ok mem key size : 0 <= size -> triple cache_ok (prepare mem key size) (fun c _ => cache_ok c).
Proof.
  intros Hs c Hc. unfold prepare, op_bind at 1, op_modify. destruct (Z.ltb_spec (MAX_TABLE_BYTES / 32) (div_ceil size CHUNK_BYTES)) as [Hb|Hb];
    [eexists _, _; split; [done|by apply invalidate_ok]|].
  assert (0 <= div_ceil size CHUNK_BYTES) by (apply Z.div_pos; unfold CHUNK_BYTES; lia).
  unfold op_bind, make_room_for. destruct (make_room_ok (S (length (values (files (invalidate key c))))) (div_ceil size CHUNK_BYTES * 32) (invalidate key c)) as (c1 & -> & H1 & _);
    [by apply invalidate_ok|change (MAX_TABLE_BYTES / 32) with 262144 in Hb; unfold MAX_TABLE_BYTES; lia|lia|].
  apply allocate_hashes_ok; [done|lia].
Qed.

Lemma allocate_chunk_loop_ok fuel k mem key n c : cache_ok c -> 0 <= n -> (length (values (chunks c)) + length (values (files c)) < fuel)%nat ->
  exists c' r, allocate_chunk_loop fuel k mem key n c = Some (c', r) /\ cache_ok c'.
Proof.
  intros Hc Hn. revert k c Hc. induction fuel as [|fuel IH]; intros k c Hc Hf; [lia|]. simpl. destruct (allocate_io 1 (mem k) n) as [b|e] eqn:Ea.
  { apply allocated_empty in Ea as [_ Ea]. unfold resize. rewrite (proj2 (Z.leb_le _ _) Ea). by eexists _, _. }
  destruct (negb _); [by eexists _, _|]. destruct (values (chunks c)) as [|x rest] eqn:Ec.
  - destruct (List.find _ _) as [victim|] eqn:Ef; [|by eexists _, _]. apply find_some in Ef as [Hin _].
    apply IH; [by apply invalidate_ok|]. pose proof (evict_fewer c victim Hin). cbn [invalidate chunks retain values] in *. rewrite Ec in *. simpl in *. lia.
  - apply IH; [by apply forget_chunk_ok|]. simpl. rewrite Ec. unfold remove_at. simpl in *. rewrite drop_0. lia.
Qed.

Lemma allocate_chunk_ok mem key n : 0 <= n -> triple cache_ok (allocate_chunk mem key n) (fun c _ => cache_ok c).
Proof. intros Hn c Hc. unfold allocate_chunk. destruct (_ <? _); [by eexists _, _|]. apply allocate_chunk_loop_ok; [done|done|lia]. Qed.

Lemma first_allocation_spec {A} size mem n (b : IoBuffer A) : table_ok n b -> 0 < n -> exists b' r, first_allocation size mem n b = Some (b', r)
  /\ values b' = values b /\ table_ok n b' /\ (r = Ok tt -> n <= capacity b').
Proof.
  intros Hb Hn. unfold first_allocation. destruct (Z.eqb_spec (capacity b) 0) as [E|E].
  - destruct (allocate_io size mem n) as [b'|e] eqn:Ea; [|eexists _, _; split; [done|]; by split_and!]. apply allocated_empty in Ea as [Ev Ea].
    assert (values b = []) as Hv by (destruct Hb as [_ [[_ ?]|?]]; [done|lia]). eexists _, _. split; [done|]. split_and!; [congruence| |done].
    split; [unfold len; rewrite Ev; simpl; lia|by right].
  - eexists _, _. split; [done|]. split_and!; [done|done|]. intros _. destruct Hb as [_ [[? _]|?]]; [done|done].
Qed.

(** A full table takes one more entry. *)
Lemma push_table {A} n (b : IoBuffer A) v : len b < n -> n <= capacity b -> push v b = Some (mkIoBuffer (values b ++ [v]) (capacity b), Ok tt)
  /\ table_ok n (mkIoBuffer (values b ++ [v]) (capacity b)).
Proof.
  intros Hl Hn. unfold push. rewrite (proj2 (Z.ltb_lt _ _)) by lia. split; [done|]. unfold table_ok, len in *. simpl. rewrite length_app. simpl. split; [lia|by right].
Qed.

Lemma remove_push_perm {A} i (l : list A) x : l !! i = Some x -> remove_at i l ++ [x] ≡ₚ l.
Proof. intros H. destruct (remove_at_split i l x H) as [E _]. unfold remove_at. rewrite E at 3. rewrite Permutation_app_comm. simpl. apply Permutation_middle. Qed.

(** Taking an entry out and putting it back at the end. *)
Lemma reposition {A} n (b : IoBuffer A) i x : table_ok n b -> values b !! i = Some x ->
  push x (remove i b) = Some (mkIoBuffer (remove_at i (values b) ++ [x]) (capacity b), Ok tt).
Proof.
  intros [H1 H2] Hx. unfold push, remove, len in *. cbn [values capacity]. pose proof (Permutation_length (remove_push_perm i _ x Hx)) as Hl.
  rewrite length_app in Hl. simpl in Hl. rewrite (proj2 (Z.ltb_lt _ _)); [done|]. destruct H2 as [[_ E]|E]; [by rewrite E in Hx|lia].
Qed.

Definition names_file (key : Z) (digest : Hash) (size : Z) f : Prop := v_key f = key /\ v_digest f = digest /\ v_size f = size.

Lemma chunk_digest_spec key digest size chunk c : cache_ok c -> exists c' r, chunk_digest key digest size chunk c = Some (c', Ok r)
  /\ cache_ok c' /\ values (files c') ≡ₚ values (files c) /\ chunks c' = chunks c
  /\ forall h, r = Some h -> exists f, In f (values (files c)) /\ names_file key digest size f /\ values (v_chunks f) !! Z.to_nat chunk = Some h.
Proof.
  intros Hc. unfold chunk_digest. destruct (position _ _) as [i|] eqn:Ep; [|exists c, None; by split_and!]. apply position_Some in Ep as (f & Hf & Hsame & _).
  rewrite Hf. destruct (values (v_chunks f) !! Z.to_nat chunk) as [h|] eqn:Eh; [|exists c, None; by split_and!].
  unfold op_bind, on_files, op_modify, op_ret. cbn [files chunks]. rewrite (reposition _ _ _ _ (co_files _ Hc) Hf). pose proof (remove_push_perm i _ f Hf) as Hp.
  eexists _, (Some h). split; [done|]. split_and!; [by apply reorder_ok|done|done|]. intros h' [= <-]. exists f.
  unfold same_file in Hsame. apply andb_true_iff in Hsame as [[H1 H2]%andb_true_iff H3].
  apply Z.eqb_eq in H1, H3. apply bool_decide_eq_true in H2. split_and!; [by eapply list_elem_of_In, list_elem_of_lookup_2|by split_and!|done].
Qed.

(** A file that is not there yet. *)
Lemma add_file_ok c f cap : cache_ok c -> table_ok MAX_FILES (mkIoBuffer (values (files c) ++ [f]) cap) -> file_ok f ->
  table_sum (values (files c)) + capacity (v_chunks f) * 32 <= MAX_TABLE_BYTES -> (forall g, In g (values (files c)) -> v_key g <> v_key f) ->
  cache_ok (mkCache (mkIoBuffer (values (files c) ++ [f]) cap) (chunks c)).
Proof.
  intros [H1 H2 H3 H4 H5 H6 H7] Ht Hf Hs Hk. split; cbn [files chunks values]; try done.
  - apply Forall_app. split; [done|]. by constructor.
  - rewrite map_app. apply NoDup_app. split_and!; [done| |apply NoDup_singleton]. intros k (g & Hg & Hin)%list_elem_of_In%in_map_iff [<-|[]]%list_elem_of_In. by apply (Hk g).
  - rewrite (table_sum_perm _ _ (Permutation_app_comm _ _)). cbn [app table_sum foldr]. unfold table_sum in *. lia.
  - eapply Forall_impl; [exact H7|]. intros e (g & Hg & Hr). exists g. split; [apply in_app_iff; by left|done].
Qed.

Lemma install_ok mem key digest size hashes : buf_ok hashes -> triple cache_ok (install size_of_file mem key digest size hashes) (fun c _ => cache_ok c).
Proof.
  intros Hb c Hc. unfold install. destruct (_ || _) eqn:E; [by eexists _, _|]. apply orb_false_iff in E as [E1 E2].
  apply negb_false_iff, Z.eqb_eq in E1. apply Z.ltb_ge in E2. unfold op_bind at 1, op_modify.
  assert (file_ok (mkVerified key digest size hashes)) as Hf by done. pose proof (file_capacity _ Hf) as Hcap. cbn [v_chunks] in Hcap.
  destruct (make_room_ok (S (length (values (files (invalidate key c))))) (capacity hashes * 32) (invalidate key c)) as (c1 & Hrun & H1 & H2 & H3 & H4);
    [by apply invalidate_ok|change (MAX_TABLE_BYTES / 32) with 262144 in E2; unfold MAX_TABLE_BYTES; lia|lia|].
  unfold op_bind at 1, make_room_for. rewrite Hrun. unfold op_bind, on_files.
  destruct (first_allocation_spec size_of_file mem MAX_FILES (files c1) (co_files _ H1) ltac:(done)) as (b & r & -> & Hv & Ht & Hr).
  assert (cache_ok (mkCache b (chunks c1))) as H1b by (destruct H1; split; cbn [files chunks]; rewrite ?Hv; done).
  destruct r as [[]|e]; [|by eexists _, _]. cbn [files chunks].
  destruct (push_table MAX_FILES b (mkVerified key digest size hashes)) as [-> Ht']; [unfold len in *; by rewrite Hv|by apply Hr|].
  eexists _, _. split; [done|]. apply (add_file_ok (mkCache b (chunks c1))); cbn [files]; [done|done|done|rewrite Hv; simpl; lia|].
  intros g Hg. rewrite Hv in Hg. by apply H4, invalidated_files in Hg as [_ ?].
Qed.

(** What a read finds. *)
Definition copied (key : Z) (digest : Hash) (size offset : Z) c (target target' : list Z) (n : Z) : Prop :=
  exists f bytes, In f (values (files c)) /\ names_file key digest size f
    /\ values (v_chunks f) !! Z.to_nat (offset / CHUNK_BYTES) = Some (sha256 bytes)
    /\ lenZ bytes = chunk_length size (offset / CHUNK_BYTES) /\ n = Z.min (lenZ target) (lenZ bytes - offset mod CHUNK_BYTES) /\ 0 <= n
    /\ target' = take (Z.to_nat n) (drop (Z.to_nat (offset mod CHUNK_BYTES)) bytes) ++ drop (Z.to_nat n) target.

Lemma copy_at_spec key digest size offset target c : cache_ok c ->
  exists c' target' r, copy_at key digest size offset target c = Some (c', Ok (target', r)) /\ cache_ok c'
    /\ match r with None => target' = target | Some n => copied key digest size offset c target target' n end.
Proof.
  intros Hc. unfold copy_at. destruct (_ <? _); [by exists c, target, None|].
  destruct (chunk_digest_spec key digest size (offset / CHUNK_BYTES) c Hc) as (c1 & r & Hd & Hc1 & Hp & Hch & Hr). unfold op_bind at 1. rewrite Hd.
  destruct r as [h|]; [|by exists c1, target, None]. destruct (Hr h eq_refl) as (f & Hf & Hn & Hh). rewrite Hch.
  destruct (position _ _) as [i|] eqn:Ep; [|by exists c1, target, None]. apply position_Some in Ep as (e & He & Hsame & _). rewrite He.
  apply andb_true_iff in Hsame as [Hk Hck]. apply Z.eqb_eq in Hk, Hck. rewrite <- Hch in He |- *.
  split_checked Hx; [|exists (mkCache (files c1) (remove i (chunks c1))), target, None; split; [done|]; split; [by apply forget_chunk_ok|done]].
  unfold op_bind, on_chunks, op_ret. cbn [files chunks]. rewrite (reposition _ _ _ _ (co_chunks _ Hc1) He).
  eexists _, _, _. split; [done|]. split; [apply reorder_chunks_ok; [done|by apply remove_push_perm]|].
  pose proof (co_verified _ Hc1) as Hver. apply list_elem_of_lookup_2 in He. eapply Forall_forall in Hver; [|exact He].
  destruct Hver as (g & Hg & Hgk & Hpos & Hsha & Hlen). assert (g = f) as ->.
  { assert (In g (values (files c))) as Hg' by (apply list_elem_of_In; rewrite <- Hp; by apply list_elem_of_In).
    apply (NoDup_map_unique v_key (values (files c))); [apply Hc|done|done|]. destruct Hn as (? & _ & _). congruence. }
  exists f, (values (c_bytes e)). rewrite Hck in *. destruct Hn as (N1 & N2 & N3). rewrite N3 in Hlen.
  split_and!; try done. lia.
Qed.

Definition install_chunk_post (key : Z) (digest : Hash) (size chunk : Z) (bytes : IoBuffer Z) c' (r : result unit) : Prop :=
  cache_ok c' /\ match r with
  | Ok _ => In (mkCached key chunk bytes) (values (chunks c')) /\ len bytes = chunk_length size chunk
      /\ exists f, In f (values (files c')) /\ names_file key digest size f /\ values (v_chunks f) !! Z.to_nat chunk = Some (sha256 (values bytes))
  | Err _ => True
  end.

(** A chunk that is verified and not there yet. *)
Lemma add_chunk_ok c e cap : cache_ok c -> table_ok MAX_CHUNKS (mkIoBuffer (values (chunks c) ++ [e]) cap) -> verified (values (files c)) e ->
  (forall x, In x (values (chunks c)) -> same_chunk (c_key e) (c_chunk e) x = false) ->
  cache_ok (mkCache (files c) (mkIoBuffer (values (chunks c) ++ [e]) cap)).
Proof.
  intros [H1 H2 H3 H4 H5 H6 H7] Ht He Hk. split; cbn [files chunks values]; try done.
  - rewrite map_app. apply NoDup_app. split_and!; [done| |apply NoDup_singleton]. intros k (x & Hx & Hin)%list_elem_of_In%in_map_iff [E|[]]%list_elem_of_In.
    rewrite <- Hx in E. injection E as E1 E2. specialize (Hk x Hin). unfold same_chunk in Hk. by rewrite E1, E2, !Z.eqb_refl in Hk.
  - apply Forall_app. split; [done|]. by constructor.
Qed.

Lemma drop_oldest_ok c : cache_ok c -> let b := drop_oldest (chunks c) in cache_ok (mkCache (files c) b) /\ len b < MAX_CHUNKS /\ values b ⊆+ values (chunks c).
Proof.
  intros Hc. unfold drop_oldest. destruct (co_chunks _ Hc) as [Hl _]. destruct (Z.eqb_spec (len (chunks c)) MAX_CHUNKS) as [E|E].
  - split_and!; [by apply forget_chunk_ok| |]; unfold len, remove, remove_at in *; cbn [values]; simpl take; rewrite app_nil_l.
    + rewrite length_drop. unfold MAX_CHUNKS in *. lia.
    + apply submseteq_drop.
  - split_and!; [by destruct c|lia|done].
Qed.

Lemma install_chunk_spec mem key digest size chunk bytes : 0 <= chunk ->
  triple cache_ok (install_chunk sha256 size_of_chunk mem key digest size chunk bytes) (install_chunk_post key digest size chunk bytes).
Proof.
  intros Hpos c Hc. unfold install_chunk. destruct (chunk_digest_spec key digest size chunk c Hc) as (c1 & r & Hd & Hc1 & Hp & Hch & Hr).
  unfold op_bind at 1. rewrite Hd. rewrite bind_ok_or. destruct r as [h|]; [|eexists _, _; split; [done|]; by split]. rewrite bind_ok_or.
  split_checked Hx; [|eexists _, _; split; [done|]; by split]. rewrite bind_ok_or. split_checked Hy; [|eexists _, _; split; [done|]; by split].
  destruct (_ || _) eqn:E.
  { unfold op_bind, op_modify, op_err. eexists _, _. split; [done|]. split; [by apply invalidate_ok|done]. }
  apply orb_false_iff in E as [[E1%negb_false_iff%Z.eqb_eq E2]%orb_false_iff E3%negb_false_iff%bool_decide_eq_true].
  unfold op_bind at 1, on_chunks at 1, op_modify. set (b1 := retain _ (chunks c1)).
  assert (cache_ok (mkCache (files c1) b1)) as Hc2.
  { destruct c1 as [[fs cap] C]. apply (shrink_cache_ok (mkCache (mkIoBuffer fs cap) C)); simpl; [done|done|apply filter_submseteq|done]. }
  destruct (drop_oldest_ok _ Hc2) as (Hc3 & Hlen & Hsub). cbn [chunks files] in *. set (b2 := drop_oldest b1) in *.
  unfold op_bind, on_chunks. cbn [files chunks].
  destruct (first_allocation_spec size_of_chunk mem MAX_CHUNKS b2 (co_chunks _ Hc3) ltac:(done)) as (b3 & r & -> & Hv & Ht & Hr3).
  assert (cache_ok (mkCache (files c1) b3)) as Hc4 by (destruct Hc3; split; cbn [files chunks] in *; rewrite ?Hv; done).
  destruct r as [[]|e]; [|by eexists _, _]. cbn [files chunks].
  destruct (push_table MAX_CHUNKS b3 (mkCached key chunk bytes)) as [-> Ht']; [unfold len in *; by rewrite Hv|by apply Hr3|].
  destruct (Hr h eq_refl) as (f & Hf & Hn & Hh). assert (In f (values (files c1))) as Hf1 by (apply list_elem_of_In; rewrite Hp; by apply list_elem_of_In).
  rewrite <- E3 in Hh. assert (len bytes = chunk_length size chunk) as Hl by (unfold chunk_length; lia).
  eexists _, _. split; [done|]. split.
  - apply (add_chunk_ok (mkCache (files c1) b3)); cbn [files chunks c_key c_chunk]; [done|done| |].
    + destruct Hn as (N1 & N2 & N3). exists f. cbn [c_key c_chunk c_bytes]. rewrite N3. by split_and!.
    + intros x Hx'. rewrite Hv in Hx'. apply list_elem_of_In in Hx'. eapply elem_of_submseteq in Hx'; [|exact Hsub].
      apply list_elem_of_In, filter_In in Hx' as [_ Hx']. by apply negb_true_iff in Hx'.
  - cbn [files chunks values]. split; [apply in_app_iff; right; by left|]. split; [done|]. by exists f.
Qed.

(** ** Reachable caches *)

Inductive CacheCall : Type :=
  | KInvalidate (key : Z) | KRetain (key : option Z)
  | KPrepare (mem : nat -> Memory) (key size : Z)
  | KAllocate (mem : nat -> Memory) (key n : Z)
  | KInstall (mem : Memory) (key : Z) (digest : Hash) (size : Z) (hashes : IoBuffer Hash)
  | KDigest (key : Z) (digest : Hash) (size chunk : Z)
  | KCopy (key : Z) (digest : Hash) (size offset : Z) (target : list Z)
  | KInstallChunk (mem : Memory) (key : Z) (digest : Hash) (size chunk : Z) (bytes : IoBuffer Z).

Definition done_with {A} (m : op VerifiedReadCache A) : op VerifiedReadCache unit := do! _ <- m; op_ret tt.
Definition run_cache (k : CacheCall) : op VerifiedReadCache unit :=
  match k with
  | KInvalidate key => op_modify (invalidate key)
  | KRetain key => op_modify (retain_file key)
  | KPrepare mem key size => done_with (prepare mem key size)
  | KAllocate mem key n => done_with (allocate_chunk mem key n)
  | KInstall mem key digest size hashes => install size_of_file mem key digest size hashes
  | KDigest key digest size chunk => done_with (chunk_digest key digest size chunk)
  | KCopy key digest size offset target => done_with (copy_at key digest size offset target)
  | KInstallChunk mem key digest size chunk bytes => install_chunk sha256 size_of_chunk mem key digest size chunk bytes
  end.

(** The arguments are unsigned, and a buffer holds no more than its capacity. *)
Definition cache_call_ok (k : CacheCall) : Prop :=
  match k with
  | KPrepare _ _ size => 0 <= size
  | KAllocate _ _ n => 0 <= n
  | KInstall _ _ _ _ hashes => buf_ok hashes
  | KInstallChunk _ _ _ _ chunk _ => 0 <= chunk
  | _ => True
  end.

Definition cache_step c c' : Prop := exists k r, cache_call_ok k /\ run_cache k c = Some (c', r).

Lemma done_with_ok {A} (m : op VerifiedReadCache A) : triple cache_ok m (fun c _ => cache_ok c) -> triple cache_ok (done_with m) (fun c _ => cache_ok c).
Proof. intros Hm c Hc. unfold done_with, op_bind. destruct (Hm c Hc) as (c' & [a|e] & -> & H); by eexists _, _. Qed.

Lemma run_cache_ok k : cache_call_ok k -> triple cache_ok (run_cache k) (fun c _ => cache_ok c).
Proof.
  destruct k; simpl; intros Hk; try apply done_with_ok.
  - intros c Hc. eexists _, _. split; [done|by apply invalidate_ok].
  - intros c Hc. eexists _, _. split; [done|by apply retain_file_ok].
  - by apply prepare_digests_ok.
  - by apply allocate_chunk_ok.
  - by apply install_ok.
  - intros c Hc. destruct (chunk_digest_spec key digest size chunk c Hc) as (c' & r & H & H' & _). by eexists _, _.
  - intros c Hc. destruct (copy_at_spec key digest size offset target c Hc) as (c' & t' & r & H & H' & _). by eexists _, _.
  - eapply triple_conseq; [by apply install_chunk_spec|done|]. by intros c r [? _].
Qed.

Lemma reachable_cache_ok c : rtc cache_step new_cache c -> cache_ok c.
Proof.
  intros H. assert (cache_ok new_cache) as H0 by apply new_cache_ok. revert H0. induction H as [|a b c (k & r & Hk & Hr) _ IH]; [done|]. intros Ha.
  apply IH. by apply (triple_run _ _ _ _ _ _ (run_cache_ok k Hk) Ha Hr).
Qed.

(** ** Theorems *)

(** C14. A read returns only verified bytes. In every reachable cache no call
    panics; at most 64 files with at most 8 MiB of digests and at most 4
    chunks are kept; and what a read copies to its target is, at the offset
    asked for, the contents of a chunk of the length that chunk of the file
    has, whose SHA-256 digest is the one recorded for that chunk of that
    file, with the digest and size the caller expects; a read that finds
    nothing leaves the target as it was. *)
Theorem reads_are_verified c : rtc cache_step new_cache c ->
  (forall k, cache_call_ok k -> run_cache k c <> None)
  /\ len (files c) <= MAX_FILES /\ len (chunks c) <= MAX_CHUNKS /\ table_sum (values (files c)) <= MAX_TABLE_BYTES
  /\ forall key digest size offset target c' r, copy_at key digest size offset target c = Some (c', r) ->
       exists target' found, r = Ok (target', found)
         /\ match found with None => target' = target | Some n => copied key digest size offset c target target' n end.
Proof.
  intros Hc%reachable_cache_ok. split_and!; [|apply Hc..|].
  - intros k Hk. eapply triple_no_panic; [by apply run_cache_ok|done].
  - intros key digest size offset target c' r Hrun. destruct (copy_at_spec key digest size offset target c Hc) as (c1 & t & found & Hrun' & _ & H).
    rewrite Hrun in Hrun'. injection Hrun' as -> ->. by exists t, found.
Qed.

Lemma position_found {A} (p : A -> bool) l x : In x l -> p x = true -> exists i y, position p l = Some i /\ l !! i = Some y /\ In y l /\ p y = true.
Proof.
  intros Hx Hp. destruct (position p l) as [i|] eqn:E.
  - apply position_Some in E as (y & Hy & Hpy & _). exists i, y. split_and!; try done. by eapply list_elem_of_In, list_elem_of_lookup_2.
  - eapply position_None in E; [|exact Hx]. congruence.
Qed.

(** What was installed is read back: the next read of the same file within the
    chunk returns its bytes. *)
Theorem installed_chunk_reads_back mem key digest size chunk bytes c c' offset target : rtc cache_step new_cache c -> 0 <= chunk <= usize_max ->
  install_chunk sha256 size_of_chunk mem key digest size chunk bytes c = Some (c', Ok tt) ->
  offset / CHUNK_BYTES = chunk -> offset <= size ->
  let start := offset mod CHUNK_BYTES in let n := Z.min (lenZ target) (len bytes - start) in
  exists c'', copy_at key digest size offset target c'
    = Some (c'', Ok (take (Z.to_nat n) (drop (Z.to_nat start) (values bytes)) ++ drop (Z.to_nat n) target, Some n)).
Proof.
  intros Hc%reachable_cache_ok Hchunk Hrun Hoff Hsize start n.
  destruct (triple_run _ _ _ _ _ _ (install_chunk_spec mem key digest size chunk bytes ltac:(lia)) Hc Hrun) as (Hok & Hin & Hlen & f & Hf & (N1 & N2 & N3) & Hh).
  unfold copy_at. rewrite Hoff. destruct (Z.ltb_spec usize_max chunk); [lia|].
  destruct (position_found (same_file key digest size) (values (files c')) f Hf) as (i & g & Hi & Hg & Hgin & Hgp).
  { unfold same_file. by rewrite N1, N2, N3, !Z.eqb_refl, bool_decide_true. }
  assert (g = f) as ->.
  { apply (NoDup_map_unique v_key (values (files c'))); [apply Hok|done|done|]. apply andb_true_iff in Hgp as [[H1%Z.eqb_eq _]%andb_true_iff _]. congruence. }
  unfold op_bind at 1, chunk_digest. rewrite Hi, Hg, Hh. unfold op_bind at 1 2, on_files, op_modify, op_ret at 1. cbn [files chunks].
  rewrite (reposition _ _ _ _ (co_files _ Hok) Hg). cbn [files chunks].
  destruct (position_found (same_chunk key chunk) (values (chunks c')) _ Hin) as (j & e & Hj & He & Hein & Hep).
  { unfold same_chunk. by rewrite !Z.eqb_refl. }
  assert (e = mkCached key chunk bytes) as ->.
  { apply andb_true_iff in Hep as [E1%Z.eqb_eq E2%Z.eqb_eq]. apply (NoDup_map_unique (fun e => (c_key e, c_chunk e)) (values (chunks c'))); [apply Hok|done|done|].
    simpl. congruence. }
  rewrite Hj, He. cbn [c_bytes]. fold start. assert (start <= len bytes) as Hle.
  { rewrite Hlen. unfold chunk_length, start. pose proof (Z.div_mod offset CHUNK_BYTES ltac:(done)) as Hd. rewrite Hoff in Hd.
    pose proof (Z.mod_pos_bound offset CHUNK_BYTES ltac:(done)). lia. }
  split_checked Hx; [|lia]. unfold op_bind, on_chunks. cbn [files chunks]. rewrite (reposition _ _ _ _ (co_chunks _ Hok) He). by eexists.
Qed.
End Cache.

(** ** Witness *)

(** A file of three bytes under key 7; its digest of a chunk is the list of the
    bytes themselves, reversed. *)
Definition cache_hashes : IoBuffer Hash := mkIoBuffer [[3; 2; 1]] 1.
Definition cache_digest : Hash := replicate 32 9.
Definition witness_cache : VerifiedReadCache :=
  let c1 := match install 64 witness_mem 7 cache_digest 3 cache_hashes new_cache with Some (c, _) => c | None => new_cache end in
  match install_chunk (@rev Z) 40 witness_mem 7 cache_digest 3 0 (mkIoBuffer [1; 2; 3] 3) c1 with Some (c, _) => c | None => c1 end.

Lemma reads_are_verified_witness :
  exists c', copy_at 7 cache_digest 3 1 [0; 0; 0; 0] witness_cache = Some (c', Ok ([2; 3; 0; 0], Some 2))
    /\ copied (@rev Z) 7 cache_digest 3 1 witness_cache [0; 0; 0; 0] [2; 3; 0; 0] 2.
Proof.
  assert (rtc (cache_step (@rev Z) 64 40) new_cache witness_cache) as Hreach.
  { eapply rtc_l; [exists (KInstall witness_mem 7 cache_digest 3 cache_hashes), (Ok tt); split; [by vm_compute|vm_compute; reflexivity]|].
    apply rtc_once. exists (KInstallChunk witness_mem 7 cache_digest 3 0 (mkIoBuffer [1; 2; 3] 3)), (Ok tt). split; [done|vm_compute; reflexivity]. }
  destruct (reads_are_verified (@rev Z) 64 40 witness_cache Hreach) as (_ & _ & _ & _ & H).
  destruct (copy_at 7 cache_digest 3 1 [0; 0; 0; 0] witness_cache) as [[c' r]|] eqn:E; [|vm_compute in E; discriminate].
  destruct (H _ _ _ _ _ _ _ E) as (t & found & -> & Hf). vm_compute in E. injection E as <- <- <-. eexists. split; [reflexivity|]. exact Hf.
Defined.
