(* ===== verification/FsChanges.v ===== *)
(** * File system change hints (crates/runtime-core/src/fs_changes.rs)

    A bounded queue of changes below watched directories. It is not a log: when
    it is full, one refresh per watched directory takes the place of what it
    held. *)

From S2P Require Import Prelude Path.

Definition MAX_PREFIXES : Z := 16.
Definition MAX_EVENTS : Z := 256.

Record Changes : Type := mkChanges { prefixes : list (list Z); events : list (Z * list Z) }.

Definition new_changes : Changes := mkChanges [] [].

Definition starts_with (p l : list Z) : bool := bool_decide (take (length p) l = p).

Definition within (prefix path : list Z) : bool :=
  bool_decide (path = prefix)
  || starts_with prefix path && (bool_decide (prefix = [slash]) || bool_decide (path !! length prefix = Some slash)).

(** [windows(2).any(|pair| pair == b"//")]. *)
Fixpoint double_slash (l : list Z) : bool :=
  match l with
  | x :: (y :: _) as l' => (x =? slash) && (y =? slash) || double_slash l'
  | _ => false
  end.

Definition rejected (prefix : list Z) : bool :=
  negb (bool_decide (head prefix = Some slash))
  || (4096 <? lenZ prefix)
  || double_slash prefix
  || existsb (Z.eqb 0) prefix
  || (1 <? lenZ prefix) && bool_decide (last prefix = Some slash)
  || existsb (fun c => bool_decide (c = [dot]) || bool_decide (c = [dot; dot])) (split prefix).

Definition watched (s : Changes) (path : list Z) : bool := existsb (fun p => within p path) (prefixes s).

Definition changes_watch (prefix : list Z) (enabled : bool) (s : Changes) : Changes * result unit :=
  if rejected prefix then (s, Err EINVAL)
  else if enabled && negb (existsb (fun p => bool_decide (p = prefix)) (prefixes s)) then
    if lenZ (prefixes s) =? MAX_PREFIXES then (s, Err ENOSPC)
    else (mkChanges (prefixes s ++ [prefix]) (events s), Ok tt)
  else if negb enabled then
    let ps := List.filter (fun p => negb (bool_decide (p = prefix))) (prefixes s) in
    (mkChanges ps (List.filter (fun e => existsb (fun p => within p (snd e)) ps) (events s)), Ok tt)
  else (s, Ok tt).

Definition invalidate_all (s : Changes) : Changes := mkChanges (prefixes s) (map (fun p => (1, p)) (prefixes s)).

(** The kind of the first event at the path, if there is one. *)
Fixpoint coalesce_event (kind : Z) (path : list Z) (l : list (Z * list Z)) : option (list (Z * list Z)) :=
  match l with
  | [] => None
  | (k, p) :: l => if bool_decide (p = path) then Some ((kind, p) :: l) else option_map (cons (k, p)) (coalesce_event kind path l)
  end.

Definition changes_publish (kind : Z) (path : list Z) (s : Changes) : Changes :=
  if negb (watched s path) then s
  else match coalesce_event kind path (events s) with
  | Some l => mkChanges (prefixes s) l
  | None =>
      let s1 := if lenZ (events s) =? MAX_EVENTS then invalidate_all s else s in
      mkChanges (prefixes s1) (events s1 ++ [(kind, path)])
  end.

(** [out[at..at + bytes.len()].copy_from_slice(bytes)]. *)
Definition put_slice (at_ : nat) (bytes out : list Z) : list Z := take at_ out ++ bytes ++ drop (at_ + length bytes) out.

Definition record (e : Z * list Z) : list Z := fst e :: le_bytes 4 (lenZ (snd e)) ++ snd e.

Fixpoint drain_events (l : list (Z * list Z)) (used : Z) (out : list Z) : list (Z * list Z) * list Z * result Z :=
  match l with
  | [] => ([], out, Ok used)
  | e :: rest =>
      let n := 5 + lenZ (snd e) in
      if lenZ out - used <? n then (l, out, if used =? 0 then Err EOVERFLOW else Ok used)
      else drain_events rest (used + n) (put_slice (Z.to_nat used) (record e) out)
  end.
Definition changes_drain (out : list Z) (s : Changes) : Changes * list Z * result Z :=
  let '(l, out', r) := drain_events (events s) 0 out in (mkChanges (prefixes s) l, out', r).

Definition changes_pending (s : Changes) : bool := negb (bool_decide (events s = [])).

(** ** The shared state with its flag *)

Record FsChanges : Type := mkFsChanges { ENABLED : bool; STATE : Changes }.

Definition watch (prefix : list Z) (enabled : bool) (s : FsChanges) : FsChanges * result unit :=
  match changes_watch prefix enabled (STATE s) with
  | (c, Ok _) => (mkFsChanges (negb (bool_decide (prefixes c = []))) c, Ok tt)
  | (c, Err e) => (mkFsChanges (ENABLED s) c, Err e)
  end.

Definition publish (kind : Z) (path : list Z) (s : FsChanges) : FsChanges :=
  if ENABLED s then mkFsChanges (ENABLED s) (changes_publish kind path (STATE s)) else s.

Definition close_name_status (open named : result WasmStat) : option bool :=
  match open with
  | Ok o =>
      if st_nlink o =? 0 then None
      else Some (match named with Ok n => (st_dev o =? st_dev n) && (st_ino o =? st_ino n) | Err _ => false end)
  | Err _ => Some false
  end.

(** [stats] is what fstat of the handle and lstat of the path answer when the
    root or the in-memory file system owns the handle. *)
Definition publish_close (path : list Z) (stats : option (result WasmStat * result WasmStat)) (s : FsChanges) : FsChanges :=
  if negb (ENABLED s) then s
  else
    match match stats with Some (o, n) => close_name_status o n | None => Some true end with
    | None => s
    | Some true => mkFsChanges (ENABLED s) (changes_publish 1 path (STATE s))
    | Some false => mkFsChanges (ENABLED s) (invalidate_all (STATE s))
    end.

Definition drain (out : list Z) (s : FsChanges) : FsChanges * list Z * result Z :=
  let '(c, out', r) := changes_drain out (STATE s) in (mkFsChanges (ENABLED s) c, out', r).

Definition has_pending (s : FsChanges) : bool := ENABLED s && changes_pending (STATE s).

(** ** What a watcher is owed *)

(** A change below a watched directory, its path unknown or known. *)
Abbreviation Owed := (list Z * option (list Z))%type.

(** An event at [q] tells of it: at its path, or a refresh of the directory. *)
Definition tells (q : list Z) (o : Owed) : bool := bool_decide (q = fst o) || bool_decide (snd o = Some q).
Definition told (l : list (Z * list Z)) (o : Owed) : bool := existsb (fun e => tells (snd e) o) l.

Definition owed_at (path : list Z) (s : FsChanges) : list Owed := map (fun p => (p, Some path)) (List.filter (fun p => within p path) (prefixes (STATE s))).
Definition owed_anywhere (s : FsChanges) : list Owed := map (fun p => (p, None)) (prefixes (STATE s)).

(** The events that a drain took. *)
Definition taken (s s' : FsChanges) : list (Z * list Z) := take (length (events (STATE s)) - length (events (STATE s'))) (events (STATE s)).

(** The changes published to each watched directory and not told yet. *)
Inductive hint_step : FsChanges * list Owed -> FsChanges * list Owed -> Prop :=
  | hint_watch prefix enabled s owed s' r : watch prefix enabled s = (s', r) ->
      hint_step (s, owed) (s', if is_ok r && negb enabled then List.filter (fun o => negb (bool_decide (fst o = prefix))) owed else owed)
  | hint_publish kind path s owed : hint_step (s, owed) (publish kind path s, owed ++ owed_at path s)
  | hint_close path stats s owed : hint_step (s, owed) (publish_close path stats s, owed ++
      match match stats with Some (o, n) => close_name_status o n | None => Some true end with
      | None => []
      | Some true => owed_at path s
      | Some false => owed_anywhere s
      end)
  | hint_drain out s owed s' out' r : drain out s = (s', out', r) ->
      hint_step (s, owed) (s', List.filter (fun o => negb (told (taken s s') o)) owed).

Definition no_watch : FsChanges * list Owed := (mkFsChanges false new_changes, []).

Record hints_ok (s : FsChanges) (owed : list Owed) : Prop := {
  ho_enabled : ENABLED s = negb (bool_decide (prefixes (STATE s) = []));
  ho_prefixes : lenZ (prefixes (STATE s)) <= MAX_PREFIXES;
  ho_distinct : NoDup (prefixes (STATE s));
  ho_events : lenZ (events (STATE s)) <= MAX_EVENTS;
  ho_watched : forall k p, In (k, p) (events (STATE s)) -> watched (STATE s) p = true;
  ho_owed : forall o, In o owed -> In (fst o) (prefixes (STATE s)) /\ told (events (STATE s)) o = true /\ (forall p, snd o = Some p -> within (fst o) p = true) }.

Lemma within_self p : within p p = true.
Proof. unfold within. by rewrite bool_decide_true. Qed.

Lemma told_In l o : told l o = true <-> exists e, In e l /\ tells (snd e) o = true.
Proof. unfold told. by rewrite existsb_exists. Qed.

Lemma watched_In s path : watched s path = true <-> exists p, In p (prefixes s) /\ within p path = true.
Proof. unfold watched. by rewrite existsb_exists. Qed.

Lemma coalesce_spec kind path l l' : coalesce_event kind path l = Some l' -> map snd l' = map snd l /\ In path (map snd l).
Proof.
  revert l'. induction l as [|[k p] l IH]; intros l'; simpl; [done|]. case_bool_decide as E; [intros [= <-]; split; [done|by left]|].
  destruct (coalesce_event kind path l) as [l1|]; [|done]. intros [= <-]. destruct (IH l1 eq_refl) as [H1 H2]. simpl. rewrite H1. split; [done|by right].
Qed.

(** Events at the same paths tell the same. *)
Lemma told_paths l l' o : (forall q, In q (map snd l) -> In q (map snd l')) -> told l o = true -> told l' o = true.
Proof.
  intros H ([k q] & Hin & Ht)%told_In. assert (In q (map snd l')) as (e & He & Hin')%in_map_iff by (apply H, in_map_iff; by exists (k, q)).
  apply told_In. exists e. split; [done|]. by rewrite He.
Qed.

(** A refresh of every directory tells everything. *)
Lemma refresh_tells s o : In (fst o) (prefixes s) -> told (events (invalidate_all s)) o = true.
Proof.
  intros H. apply told_In. exists (1, fst o). split; [simpl; by apply (in_map (fun p => (1, p)))|]. unfold tells. simpl. by rewrite bool_decide_true.
Qed.

Lemma publish_tells kind path s o : In (fst o) (prefixes s) -> told (events s) o = true \/ snd o = Some path /\ watched s path = true ->
  told (events (changes_publish kind path s)) o = true.
Proof.
  intros Hp Ho. unfold changes_publish. destruct (watched s path) eqn:Ew; simpl; [|destruct Ho as [?|[_ ?]]; [done|congruence]].
  destruct (coalesce_event kind path (events s)) as [l|] eqn:Ec; simpl.
  - apply coalesce_spec in Ec as [E1 E2]. destruct Ho as [Ho|[Ho _]]; [eapply told_paths; [|exact Ho]; by rewrite E1|].
    rewrite <- E1 in E2. apply in_map_iff in E2 as (e & He & Hin). apply told_In. exists e. split; [done|]. unfold tells. rewrite He, Ho, (bool_decide_true (Some path = Some path)) by done. apply orb_true_r.
  - apply told_In. setoid_rewrite in_app_iff. destruct Ho as [Ho|[Ho _]].
    + assert (told (events (if lenZ (events s) =? MAX_EVENTS then invalidate_all s else s)) o = true) as (e & He & Ht)%told_In; [|by eauto].
      destruct (_ =? _); [by apply refresh_tells|done].
    + exists (kind, path). split; [right; by left|]. unfold tells. simpl. rewrite Ho, (bool_decide_true (Some path = Some path)) by done. apply orb_true_r.
Qed.

Lemma publish_prefixes kind path s : prefixes (changes_publish kind path s) = prefixes s.
Proof. unfold changes_publish. destruct (negb _); [done|]. destruct (coalesce_event _ _ _); [done|]. by destruct (_ =? _). Qed.

Lemma publish_ok kind path s owed : hints_ok s owed -> ENABLED s = true -> hints_ok (mkFsChanges true (changes_publish kind path (STATE s))) (owed ++ owed_at path s).
Proof.
  intros [H1 H2 H3 H4 H5 H6] He. split; cbn [ENABLED STATE]; rewrite ?publish_prefixes; try done; [by rewrite <- H1, He| | |].
  - unfold changes_publish. destruct (watched (STATE s) path); simpl; [|done]. destruct (coalesce_event _ _ _) as [l|] eqn:Ec; simpl.
    + apply coalesce_spec in Ec as [E%(f_equal length) _]. rewrite !length_map in E. lia.
    + rewrite length_app. simpl. destruct (Z.eqb_spec (lenZ (events (STATE s))) MAX_EVENTS); simpl; [rewrite length_map|]; unfold MAX_PREFIXES, MAX_EVENTS in *; lia.
  - intros k p. unfold watched. rewrite publish_prefixes. fold (watched (STATE s) p). unfold changes_publish. destruct (watched (STATE s) path) eqn:Ew; simpl; [|by apply H5].
    destruct (coalesce_event _ _ _) as [l|] eqn:Ec; simpl.
    + apply coalesce_spec in Ec as [E _]. intros Hin%(in_map snd). rewrite E in Hin. apply in_map_iff in Hin as ([k' p'] & Hp & Hin). simpl in Hp. subst p'. by eapply H5.
    + rewrite in_app_iff. intros [Hin|[[= <- <-]|[]]]; [|done]. destruct (_ =? _); simpl in Hin; [|by eapply H5].
      apply in_map_iff in Hin as (q & [= <- <-] & Hq). apply watched_In. exists q. split; [done|apply within_self].
  - intros o [Ho|Ho]%in_app_iff.
    + destruct (H6 o Ho) as (A & B & C). split_and!; [done| |done]. apply publish_tells; [done|by left].
    + unfold owed_at in Ho. apply in_map_iff in Ho as (p & <- & [Hp Hw]%filter_In). simpl. split_and!; [done| |by intros q [= <-]].
      apply publish_tells; [done|right]. split; [done|]. apply watched_In. by exists p.
Qed.

Lemma refresh_ok s owed : hints_ok s owed -> hints_ok (mkFsChanges (ENABLED s) (invalidate_all (STATE s))) (owed ++ owed_anywhere s).
Proof.
  intros [H1 H2 H3 H4 H5 H6]. split; cbn [ENABLED STATE invalidate_all prefixes]; try done.
  - simpl. rewrite length_map. unfold MAX_PREFIXES, MAX_EVENTS in *. lia.
  - simpl. intros k p (q & [= <- <-] & Hq)%in_map_iff. apply watched_In. exists q. split; [done|apply within_self].
  - intros o [Ho|Ho]%in_app_iff.
    + destruct (H6 o Ho) as (A & B & C). split_and!; [done|by apply refresh_tells|done].
    + apply in_map_iff in Ho as (p & <- & Hp). split_and!; [done|by apply refresh_tells|done].
Qed.

(** Nobody watches, nothing is owed. *)
Lemma disabled_owes_nothing s owed path : hints_ok s owed -> ENABLED s = false -> owed_at path s = [] /\ owed_anywhere s = [].
Proof.
  intros [H1 _ _ _ _ _] He. rewrite H1 in He. apply negb_false_iff, bool_decide_eq_true in He. unfold owed_at, owed_anywhere. by rewrite He.
Qed.

Lemma watch_ok prefix enabled s owed s' r : hints_ok s owed -> watch prefix enabled s = (s', r) ->
  hints_ok s' (if is_ok r && negb enabled then List.filter (fun o => negb (bool_decide (fst o = prefix))) owed else owed).
Proof.
  intros Hs. pose proof Hs as [H1 H2 H3 H4 H5 H6]. unfold watch, changes_watch. destruct s as [en c]. cbn [STATE ENABLED] in *. destruct (rejected prefix); [by intros [= <- <-]|].
  destruct enabled; cbn [andb negb].
  - destruct (existsb _ _) eqn:Ex; cbn [negb]; [intros [= <- <-]; simpl; rewrite <- H1; done|].
    destruct (Z.eqb_spec (lenZ (prefixes c)) MAX_PREFIXES) as [E|E]; intros [= <- <-]; [done|]. simpl.
    assert (forall p, watched c p = true -> watched (mkChanges (prefixes c ++ [prefix]) (events c)) p = true) as Hmono.
    { intros p (q & Hq & Hw)%watched_In. apply watched_In. exists q. split; [simpl; apply in_app_iff; by left|done]. }
    split; cbn [ENABLED STATE prefixes events]; try done.
    + rewrite length_app. simpl. lia.
    + apply NoDup_app. split_and!; [done| |apply NoDup_singleton]. intros p Hp [<-|[]]%list_elem_of_In.
      assert (existsb (fun q => bool_decide (q = prefix)) (prefixes c) = true); [|congruence].
      apply existsb_exists. exists prefix. split; [by apply list_elem_of_In|by apply bool_decide_true].
    + intros k p Hin. by apply Hmono, (H5 k).
    + intros o Ho. destruct (H6 o Ho) as (A & B & C). split_and!; [apply in_app_iff; by left|done|done].
  - intros [= <- <-]. simpl. set (ps := List.filter _ (prefixes c)). split; cbn [ENABLED STATE prefixes events]; try done.
    + assert (length ps <= length (prefixes c))%nat by apply filter_length_le. lia.
    + unfold ps. clear -H3. induction H3 as [|p l Hp _ IH]; simpl; [constructor|]. destruct (negb _); [|done]. constructor; [|done].
      rewrite list_elem_of_In, filter_In. intros [Hin _]. by apply Hp, list_elem_of_In.
    + assert (forall f, length (List.filter f (events c)) <= length (events c))%nat as Hl by (intros f; apply filter_length_le). specialize (Hl (fun e => existsb (fun p => within p (snd e)) ps)). lia.
    + by intros k p [_ Hw]%filter_In.
    + intros o [Ho Hne]%filter_In. destruct (H6 o Ho) as (A & (e & He & Ht)%told_In & C). assert (In (fst o) ps) as Hps by (by apply filter_In).
      split_and!; [done| |done]. apply told_In. exists e. split; [|done]. apply filter_In. split; [done|]. apply existsb_exists. exists (fst o). split; [done|].
      unfold tells in Ht. apply orb_true_iff in Ht as [->%bool_decide_eq_true|Hx%bool_decide_eq_true]; [apply within_self|by apply C].
Qed.

(** ** Draining *)

Lemma length_record e : lenZ (record e) = 5 + lenZ (snd e).
Proof. unfold record. cbn [length]. rewrite length_app, length_le_bytes. lia. Qed.

Definition records (d : list (Z * list Z)) : list Z := concat (map record d).

Lemma drain_events_spec l used out : 0 <= used <= lenZ out -> exists d l' out' r, drain_events l used out = (l', out', r) /\ l = d ++ l'
  /\ out' = take (Z.to_nat used) out ++ records d ++ drop (Z.to_nat used + length (records d)) out
  /\ used + lenZ (records d) <= lenZ out
  /\ (r = Ok (used + lenZ (records d)) \/ r = Err EOVERFLOW /\ used = 0 /\ d = [] /\ exists e rest, l' = e :: rest /\ lenZ out < lenZ (record e)).
Proof.
  revert used out. induction l as [|e l IH]; intros used out Hu; cbn [drain_events].
  { exists [], [], out, (Ok used). cbn [records map concat length app]. rewrite Nat.add_0_r, take_drop. split_and!; [done|done|done|simpl; lia|left; f_equal; simpl; lia]. }
  destruct (Z.ltb_spec (lenZ out - used) (5 + lenZ (snd e))) as [Hf|Hf].
  { exists [], (e :: l), out. eexists. cbn [records map concat length app]. rewrite Nat.add_0_r, take_drop. split; [done|]. split_and!; [done|done|simpl; lia|].
    destruct (Z.eqb_spec used 0) as [->|]; [right|left; f_equal; simpl; lia]. split_and!; [done..|]. exists e, l. split; [done|]. rewrite length_record. lia. }
  pose proof (length_record e) as Hr. set (out1 := put_slice (Z.to_nat used) (record e) out).
  assert (length (take (Z.to_nat used) out) = Z.to_nat used) as Ht by (rewrite length_take; lia).
  assert (lenZ out1 = lenZ out) as Hl1. { unfold out1, put_slice. rewrite !length_app, Ht, length_drop. lia. }
  destruct (IH (used + (5 + lenZ (snd e))) out1 ltac:(lia)) as (d & l' & out' & r & -> & -> & -> & Hb & Hend). rewrite Hl1 in Hb.
  assert (records (e :: d) = record e ++ records d) as Hrec by done.
  assert (Z.to_nat (used + (5 + lenZ (snd e))) = (Z.to_nat used + length (record e))%nat) as -> by lia.
  exists (e :: d), l'. eexists _, r. split; [done|]. rewrite Hrec, !length_app. split_and!; [done| |lia|].
  - unfold out1, put_slice. rewrite !app_assoc. set (a := take (Z.to_nat used) out ++ record e).
    assert (length a = (Z.to_nat used + length (record e))%nat) as Ha by (unfold a; rewrite length_app; lia).
    rewrite <- Ha, take_app_length. rewrite drop_app_ge by lia. rewrite drop_drop. f_equal. f_equal. lia.
  - destruct Hend as [->|(_ & Hz & _)]; [left; f_equal; lia|lia].
Qed.

(** A reader of the records. *)
Fixpoint read_records (fuel : nat) (l : list Z) : list (Z * list Z) :=
  match fuel, l with
  | S fuel, kind :: rest =>
      let n := Z.to_nat (le_value (take 4 rest)) in
      (kind, take n (drop 4 rest)) :: read_records fuel (drop (4 + n) rest)
  | _, _ => []
  end.

Lemma read_records_spec fuel d : (length d <= fuel)%nat -> Forall (fun e => lenZ (snd e) <= usize_max) d -> read_records fuel (records d) = d.
Proof.
  revert d. induction fuel as [|fuel IH]; intros [|[k p] d] Hl Hd; [done|simpl in Hl; lia|done|]. apply Forall_cons in Hd as [Hp Hd]. cbn [snd] in Hp.
  change (records ((k, p) :: d)) with (k :: (le_bytes 4 (lenZ p) ++ p) ++ records d). cbn [read_records]. rewrite <- app_assoc.
  assert (length (le_bytes 4 (lenZ p)) = 4%nat) as H4 by apply length_le_bytes.
  rewrite (take_app_length' _ _ 4) by done. rewrite le_value_bytes, Z.mod_small by (unfold usize_max, u32_max in Hp; simpl; lia). rewrite Nat2Z.id.
  rewrite <- drop_drop. rewrite (drop_app_length' _ _ 4) by done. rewrite take_app_length, drop_app_length. f_equal. apply IH; [simpl in Hl; lia|done].
Qed.

Lemma drain_spec out s s' out' r : drain out s = (s', out', r) ->
  ENABLED s' = ENABLED s /\ prefixes (STATE s') = prefixes (STATE s) /\ events (STATE s) = taken s s' ++ events (STATE s')
  /\ out' = records (taken s s') ++ drop (length (records (taken s s'))) out /\ lenZ (records (taken s s')) <= lenZ out
  /\ (r = Ok (lenZ (records (taken s s'))) \/ r = Err EOVERFLOW /\ taken s s' = [] /\ exists e rest, events (STATE s) = e :: rest /\ lenZ out < lenZ (record e)).
Proof.
  unfold drain, changes_drain. destruct (drain_events_spec (events (STATE s)) 0 out ltac:(lia)) as (d & l & o & r' & -> & Hl & Ho & Hb & Hr).
  intros [= <- <- <-]. assert (taken s (mkFsChanges (ENABLED s) (mkChanges (prefixes (STATE s)) l)) = d) as ->.
  { unfold taken. cbn [STATE events]. rewrite Hl, length_app. replace (length d + length l - length l)%nat with (length d) by lia. apply take_app_length. }
  cbn [ENABLED STATE prefixes events]. split_and!; [done|done|done|exact Ho|lia|].
  destruct Hr as [->|(-> & _ & -> & e & rest & -> & He)]; [by left|]. right. split_and!; [done|done|]. exists e, rest. split; [by rewrite Hl|done].
Qed.

Lemma drain_ok out s owed s' out' r : hints_ok s owed -> drain out s = (s', out', r) -> hints_ok s' (List.filter (fun o => negb (told (taken s s') o)) owed).
Proof.
  intros [H1 H2 H3 H4 H5 H6] Hd. destruct (drain_spec _ _ _ _ _ Hd) as (E1 & E2 & E3 & _). split; rewrite ?E1, ?E2; try done.
  - rewrite E3, length_app in H4. lia.
  - intros k p Hin. unfold watched. rewrite E2. apply (H5 k). rewrite E3. apply in_app_iff. by right.
  - intros o [Ho Hn%negb_true_iff]%filter_In. destruct (H6 o Ho) as (A & B & C). split_and!; [done| |done]. unfold told in B, Hn |- *. rewrite E3, existsb_app, Hn in B. done.
Qed.

Lemma hint_step_ok S S' : hint_step S S' -> hints_ok (fst S) (snd S) -> hints_ok (fst S') (snd S').
Proof.
  intros [prefix enabled s owed s' r Hr|kind path s owed|path stats s owed|out s owed s' out' r Hr] Hs; cbn [fst snd] in *.
  - by eapply watch_ok.
  - unfold publish. destruct (ENABLED s) eqn:E; [by apply publish_ok|]. destruct (disabled_owes_nothing _ _ path Hs E) as [-> _]. by rewrite app_nil_r.
  - unfold publish_close. destruct (ENABLED s) eqn:E; cbn [negb].
    + destruct (match stats with Some (o, n) => _ | None => _ end) as [[]|]; [by apply publish_ok| |by rewrite app_nil_r]. rewrite <- E. by apply refresh_ok.
    + destruct (disabled_owes_nothing _ _ path Hs E) as [-> ->]. destruct (match stats with Some (o, n) => _ | None => _ end) as [[]|]; by rewrite app_nil_r.
  - by eapply drain_ok.
Qed.

Lemma reachable_hints_ok S : rtc hint_step no_watch S -> hints_ok (fst S) (snd S).
Proof.
  intros H. assert (hints_ok (fst no_watch) (snd no_watch)) as H0 by (split; simpl; try done; constructor). revert H0. induction H; eauto using hint_step_ok.
Qed.

(** ** Theorems *)

(** C25. A watcher never misses a change. Whatever is watched, unwatched, changed
    and drained, a change below a directory that was watched when it happened,
    and still is, that no drain has told of has an event in the queue, at its
    path or a refresh of the directory, and the queue is reported as pending;
    the queue and the watches stay within their limits. *)
Theorem no_change_is_missed s owed : rtc hint_step no_watch (s, owed) ->
  lenZ (prefixes (STATE s)) <= MAX_PREFIXES /\ lenZ (events (STATE s)) <= MAX_EVENTS
  /\ forall pr path, In (pr, path) owed -> In pr (prefixes (STATE s)) /\ has_pending s = true
       /\ exists k q, In (k, q) (events (STATE s)) /\ (q = pr \/ path = Some q).
Proof.
  intros H. destruct (reachable_hints_ok _ H) as [H1 H2 H3 H4 H5 H6]. cbn [fst snd] in *. split_and!; [done|done|]. intros pr path Hin.
  destruct (H6 _ Hin) as (A & B & _). cbn [fst] in A. split; [done|]. apply told_In in B as ([k q] & He & Ht).
  split.
  - unfold has_pending, changes_pending. rewrite H1. rewrite !bool_decide_false; [done| |]; intros E; [by rewrite E in He|by rewrite E in A].
  - exists k, q. split; [done|]. unfold tells in Ht. apply orb_true_iff in Ht as [Ht|Ht]; apply bool_decide_eq_true in Ht; simpl in Ht; [by left|by right].
Qed.

(** A drain hands over the oldest events, as many as fit, as records that read
    back as those events; it writes nothing else, and fails, changing nothing,
    only when the first record does not fit. *)
Theorem drained_records_read_back out s s' out' r : lenZ out <= usize_max -> drain out s = (s', out', r) ->
  events (STATE s) = taken s s' ++ events (STATE s')
  /\ match r with
     | Ok n => read_records (length (taken s s')) (take (Z.to_nat n) out') = taken s s' /\ drop (Z.to_nat n) out' = drop (Z.to_nat n) out
     | Err e => e = EOVERFLOW /\ events (STATE s') = events (STATE s) /\ out' = out /\ exists e rest, events (STATE s) = e :: rest /\ lenZ out < lenZ (record e)
     end.
Proof.
  intros Hout Hd. destruct (drain_spec _ _ _ _ _ Hd) as (_ & _ & E & Ho & Hb & Hr). split; [done|]. set (d := taken s s') in *. destruct Hr as [->|(-> & Hd0 & He)].
  - rewrite Nat2Z.id, Ho, take_app_length, drop_app_length. split; [|done]. apply read_records_spec; [done|].
    assert (forall l, lenZ (records l) <= usize_max -> Forall (fun e => lenZ (snd e) <= usize_max) l) as Hall; [|apply Hall; lia].
    induction l as [|e l IH]; intros Hl; [constructor|]. change (records (e :: l)) with (record e ++ records l) in Hl. rewrite length_app in Hl.
    pose proof (length_record e). constructor; [lia|apply IH; lia].
  - rewrite Hd0 in *. simpl in Ho, E. split_and!; [done|by rewrite E|by rewrite Ho, drop_0|done].
Qed.

(** ** Witness *)

(** Someone watches /a and /a/b changes. *)
Definition watched_a : FsChanges := fst (watch [47; 97] true (fst no_watch)).
Definition changed_ab : FsChanges := publish 2 [47; 97; 47; 98] watched_a.

Lemma no_change_is_missed_witness : has_pending changed_ab = true.
Proof.
  assert (rtc hint_step no_watch (changed_ab, [([47; 97], Some [47; 97; 47; 98])])) as Hreach.
  { eapply rtc_l; [exact (hint_watch [47; 97] true (fst no_watch) [] watched_a (Ok tt) eq_refl)|]. apply rtc_once. exact (hint_publish 2 [47; 97; 47; 98] watched_a []). }
  destruct (no_change_is_missed changed_ab _ Hreach) as (_ & _ & H). apply (H [47; 97] (Some [47; 97; 47; 98])). left. reflexivity.
Defined.
