(* ===== verification/OverlayActivation.v ===== *)
(** * Activation of overlay generations (crates/runtime-core/src/overlay_activation.rs)

    A persistent overlay has two control records; each says which generation
    of the overlay is active. A record is stored in a fixed layout under a
    SHA-256 digest and exchanged with the host in another, whose numbers are
    floating-point. The digest function, of the crate sha2, is the parameter
    [sha256]. *)

From S2P Require Import Prelude.

Definition RECORD_BYTES : Z := 128.
Definition WIRE_BYTES : Z := 120.
Definition MAX_INPUT_BYTES : Z := 8 + 2 * WIRE_BYTES.
Definition MAX_SAFE_INTEGER : Z := 2 ^ 53 - 1.

(** [bytes[off..off + n]]. *)
Definition field (off n : nat) (bytes : list Z) : list Z := take n (drop off bytes).
Definition read_u32 (bytes : list Z) (off : nat) : Z := le_value (field off 4 bytes).
Definition read_u64 (bytes : list Z) (off : nat) : Z := le_value (field off 8 bytes).

Definition zero32 : list Z := replicate 32 0.
(** [b"KOGA"], [b"legacy"]. *)
Definition koga : list Z := [75; 79; 71; 65].
Definition legacy : list Z := [108; 101; 103; 97; 99; 121].
Definition letter_g : Z := 103.
Definition digit_0 : Z := 48.

Record ActivationRecord : Type := mkActivation {
  sequence : Z; generation : Z; slot : option Z; base_digest : list Z; seal_digest : list Z }.

Definition is_none {A} (o : option A) : bool := match o with None => true | Some _ => false end.

Definition validate (r : ActivationRecord) : result unit :=
  if (sequence r =? 0) || (MAX_SAFE_INTEGER <? sequence r)
     || (MAX_SAFE_INTEGER <? generation r)
     || negb (Bool.eqb (is_none (slot r)) (generation r =? 0))
     || match slot r with Some s => MAX_SAFE_INTEGER <=? s | None => false end
     || is_none (slot r) && negb (bool_decide (seal_digest r = zero32))
  then Err EINVAL
  else Ok tt.

Definition same_identity (a b : ActivationRecord) : bool :=
  (generation a =? generation b) && bool_decide (slot a = slot b)
  && bool_decide (base_digest a = base_digest b) && bool_decide (seal_digest a = seal_digest b).

Definition with_sequence (r : ActivationRecord) (n : Z) : ActivationRecord :=
  mkActivation n (generation r) (slot r) (base_digest r) (seal_digest r).

Section Digest.
Variable sha256 : list Z -> list Z.

(** The first 96 bytes. *)
Definition body_parts (r : ActivationRecord) : list (list Z) :=
  [koga; le_bytes 4 1; le_bytes 8 (sequence r); le_bytes 8 (generation r);
   le_bytes 8 (match slot r with Some s => s + 1 | None => 0 end); base_digest r; seal_digest r].
Definition record_body (r : ActivationRecord) : list Z := concat (body_parts r).
Definition encode (r : ActivationRecord) : result (list Z) :=
  let? _ := validate r in Ok (record_body r ++ sha256 (record_body r)).

Definition decode (bytes : list Z) : result ActivationRecord :=
  if negb (lenZ bytes =? RECORD_BYTES) || negb (bool_decide (field 0 4 bytes = koga))
     || negb (read_u32 bytes 4 =? 1) || negb (bool_decide (sha256 (field 0 96 bytes) = drop 96 bytes))
  then Err EIO
  else
    let r := mkActivation (read_u64 bytes 8) (read_u64 bytes 16) (checked_sub (read_u64 bytes 24) 1)
               (field 32 32 bytes) (field 64 32 bytes) in
    match validate r with Ok _ => Ok r | Err _ => Err EIO end.
End Digest.

(** ** Succession *)

Definition next_activation (current : option ActivationRecord) (identity : ActivationRecord) : result ActivationRecord :=
  let? identity :=
    match current with
    | Some current =>
        let? _ := validate current in
        let unchanged := same_identity current identity in
        if negb unchanged && (negb (generation identity =? generation current + 1) || negb (bool_decide (base_digest identity = base_digest current)))
        then Err EINVAL
        else Ok (with_sequence identity (if unchanged then sequence current else sequence current + 1))
    | None => Ok (with_sequence identity 1)
    end in
  let? _ := validate identity in
  Ok identity.

Definition validate_option (r : option ActivationRecord) : result unit :=
  match r with Some r => validate r | None => Ok tt end.

Definition select_activation (first second : option ActivationRecord) (invalid : bool) : result (option ActivationRecord) :=
  let? _ := validate_option first in
  let? _ := validate_option second in
  match first, second with
  | None, None => if invalid then Err EIO else Ok None
  | Some r, None | None, Some r => Ok (Some r)
  | Some a, Some b =>
      if (sequence a =? sequence b) && negb (same_identity a b) then Err EIO
      else Ok (Some (if sequence b <=? sequence a then a else b))
  end.

(** ** The wire *)

(** [x as f64] of an unsigned integer, rounded to the nearest, ties to even;
    the bits of the result. *)
Definition shifted (x shift : Z) : Z :=
  if 0 <=? shift then Z.shiftl x shift
  else
    let q := Z.shiftr x (- shift) in
    let r := x mod 2 ^ (- shift) in
    let half := 2 ^ (- shift - 1) in
    if (half <? r) || (r =? half) && Z.odd q then q + 1 else q.
Definition f64_bits (x : Z) : Z :=
  if x =? 0 then 0 else let e := Z.log2 x in (e + 1023) * 2 ^ 52 + (shifted x (52 - e) - 2 ^ 52).

Definition wire_integer (bytes : list Z) (off : nat) : result Z :=
  let bits := read_u64 bytes off in
  if Z.land bits (2 ^ 63 - 1) =? 0 then Ok 0
  else
    let exponent := Z.land (Z.shiftr bits 52) 2047 - 1023 in
    if negb (Z.shiftr bits 63 =? 0) || negb ((0 <=? exponent) && (exponent <=? 52)) then Err EINVAL
    else
      let significand := Z.lor (Z.land bits (2 ^ 52 - 1)) (Z.shiftl 1 52) in
      let shift := 52 - exponent in
      if negb (Z.land significand (Z.shiftl 1 shift - 1) =? 0) then Err EINVAL
      else Ok (Z.shiftr significand shift).

Definition is_ascii_digit (b : Z) : bool := (48 <=? b) && (b <=? 57).
Fixpoint parse_digits (l : list Z) (number : Z) : result Z :=
  match l with
  | [] => Ok number
  | digit :: l =>
      if negb (is_ascii_digit digit) then Err EINVAL
      else match checked_mul u64_max number 10 with
      | None => Err EINVAL
      | Some n =>
          match checked_add u64_max n (digit - digit_0) with
          | None => Err EINVAL
          | Some n => parse_digits l n
          end
      end
  end.
Definition parse_wire_slot (s : list Z) : result (option Z) :=
  if bool_decide (s = legacy) then Ok None
  else if (lenZ s <? 2) || negb (bool_decide (s !! 0%nat = Some letter_g)) || (2 <? lenZ s) && bool_decide (s !! 1%nat = Some digit_0)
  then Err EINVAL
  else
    let? number := parse_digits (drop 1 s) 0 in
    if MAX_SAFE_INTEGER <=? number then Err EINVAL else Ok (Some number).

Definition from_wire (bytes : list Z) : result ActivationRecord :=
  if negb (lenZ bytes =? WIRE_BYTES) || negb (read_u32 bytes 20 =? 32) || negb (read_u32 bytes 24 =? 32) || negb (read_u32 bytes 28 =? 0)
  then Err EINVAL
  else
    let length := read_u32 bytes 16 in
    if 24 <? length then Err EINVAL
    else
      let? slot := parse_wire_slot (field 96 (Z.to_nat length) bytes) in
      let? sequence := wire_integer bytes 0 in
      let? generation := wire_integer bytes 8 in
      Ok (mkActivation sequence generation slot (field 32 32 bytes) (field 64 32 bytes)).

(** The digits of a 64-bit number, at most 20. *)
Fixpoint write_digits (fuel : nat) (number : Z) (acc : list Z) : list Z :=
  match fuel with
  | O => acc
  | S fuel =>
      let acc := digit_0 + number mod 10 :: acc in
      if number / 10 =? 0 then acc else write_digits fuel (number / 10) acc
  end.
Definition slot_text (s : option Z) : list Z :=
  match s with None => legacy | Some n => letter_g :: write_digits 20 n [] end.
Definition wire_parts (r : ActivationRecord) : list (list Z) :=
  let text := slot_text (slot r) in
  [le_bytes 8 (f64_bits (sequence r)); le_bytes 8 (f64_bits (generation r));
   le_bytes 4 (lenZ text); le_bytes 4 32; le_bytes 4 32; replicate 4 0; base_digest r; seal_digest r;
   text; replicate (24 - length text) 0].
Definition to_wire (r : ActivationRecord) : list Z := concat (wire_parts r).

Section Codec.
Variable sha256 : list Z -> list Z.

(** The output of an operation, before it is copied. *)
Definition codec_result (operation : Z) (input : list Z) : result (list Z) :=
  if operation =? 0 then let? r := from_wire input in encode sha256 r
  else if operation =? 1 then let? r := decode sha256 input in Ok (to_wire r)
  else if (operation =? 2) || (operation =? 3) then
    if negb (lenZ input =? MAX_INPUT_BYTES) || negb (read_u32 input 4 =? 0) then Err EINVAL
    else
      let flags := read_u32 input 0 in
      let? first := if Z.land flags 1 =? 0 then Ok None else let? r := from_wire (field 8 120 input) in Ok (Some r) in
      let second_bytes := drop 128 input in
      let? record :=
        if operation =? 2 then
          if 1 <? flags then Err EINVAL
          else
            let? identity := from_wire second_bytes in
            let? r := next_activation first identity in Ok (Some r)
        else
          if 7 <? flags then Err EINVAL
          else
            let? second := if Z.land flags 2 =? 0 then Ok None else let? r := from_wire second_bytes in Ok (Some r) in
            select_activation first second (negb (Z.land flags 4 =? 0)) in
      Ok (match record with Some r => to_wire r | None => [] end)
  else Err EINVAL.

Definition codec (operation : Z) (input output : list Z) : list Z * result Z :=
  match codec_result operation input with
  | Err e => (output, Err e)
  | Ok bytes =>
      if lenZ output <? lenZ bytes then (output, Err EINVAL)
      else (bytes ++ drop (length bytes) output, Ok (lenZ bytes))
  end.
End Codec.
