(* ===== verification/OverlayPolicy.v ===== *)
(** * What may be reclaimed (crates/runtime-core/src/overlay_generation_policy.rs)

    Before the host reuses or removes the storage of a generation of an overlay
    it asks whether it may; these are the decisions. A generation is its slot
    and its number; the original generation has no slot and number 0. *)

From S2P Require Import Prelude OverlayActivation.

Definition POINT_BYTES : Z := 40.

Record Generation : Type := mkGeneration { g_slot : option Z; g_number : Z }.

Definition all_zero (l : list Z) : bool := forallb (Z.eqb 0) l.

Definition decode_generation (bytes : list Z) : result Generation :=
  if negb (lenZ bytes =? POINT_BYTES) || negb (all_zero (field 12 4 bytes)) then Err EINVAL
  else
    let length := read_u32 bytes 8 in
    if (24 <? length) || negb (all_zero (drop (16 + Z.to_nat length) bytes)) then Err EINVAL
    else
      let? slot := parse_wire_slot (field 16 (Z.to_nat length) bytes) in
      let? number := wire_integer bytes 0 in
      if is_none slot && negb (number =? 0) then Err EINVAL else Ok (mkGeneration slot number).

Definition sealed (g : Generation) : result Generation :=
  if is_none (g_slot g) || (g_number g =? 0) then Err EINVAL else Ok g.

Definition is_some {A} (o : option A) : bool := negb (is_none o).
Definition same_slot (a b : option Z) : bool := bool_decide (a = b).

Definition predecessor_of (g active : Generation) : bool :=
  ((0 <? g_number g) || is_none (g_slot g))
  && bool_decide (checked_add u64_max (g_number g) 1 = Some (g_number active)) && negb (same_slot (g_slot g) (g_slot active)).

Definition reusable_after (g active : Generation) : bool :=
  is_some (g_slot g) && (g_number active <? g_number g) && negb (same_slot (g_slot g) (g_slot active)).

Definition header (input : list Z) (length mask : Z) : result Z :=
  if negb (lenZ input =? length) || negb (all_zero (field 4 4 input)) then Err EINVAL
  else
    let flags := read_u32 input 0 in
    if negb (Z.land flags (Z.lxor mask u32_max) =? 0) then Err EINVAL else Ok flags.

Definition identity (bytes : list Z) : result ActivationRecord :=
  let? r := from_wire bytes in
  let r := with_sequence r 1 in
  let? _ := validate r in
  Ok r.

(** A part that a flag announces, all zero without it. *)
Definition optional {A} (present : bool) (f : list Z -> result A) (bytes : list Z) : result (option A) :=
  if present then let? a := f bytes in Ok (Some a)
  else if negb (all_zero bytes) then Err EINVAL else Ok None.

Definition candidate_role (input : list Z) : result Z :=
  let? flags := header input (8 + 2 * WIRE_BYTES) 15 in
  let? active := optional (has_flag flags 1) identity (field 8 120 input) in
  let? candidate := optional (has_flag flags 2) identity (drop 128 input) in
  let finish := has_flag flags 4 in
  if has_flag flags 8 && negb finish then Err EINVAL
  else
    match active with
    | None =>
        if finish && has_flag flags 8 then Err EIO
        else if negb finish && is_none candidate then Err EINVAL
        else Ok 0
    | Some active =>
        match candidate with
        | None => if negb finish then Err EINVAL else if is_none (slot active) then Ok 0 else Err EIO
        | Some candidate =>
            if same_slot (slot active) (slot candidate) then if same_identity active candidate then Ok 1 else Err EIO
            else if finish then Err EIO
            else Ok (if generation active <? generation candidate then 2 else 3)
        end
    end.

Definition is_some_and {A} (o : option A) (p : A -> bool) : bool := match o with Some a => p a | None => false end.
Definition is_none_or {A} (o : option A) (p : A -> bool) : bool := match o with Some a => p a | None => true end.

Definition retention (input : list Z) : result Z :=
  let? flags := header input (8 + 3 * POINT_BYTES) 15 in
  let mode := Z.land flags 3 in
  let? active := decode_generation (field 8 40 input) in
  if (g_number active =? 0) && is_some (g_slot active) then Err EINVAL
  else
    let? protected := optional (has_flag flags 4) decode_generation (field 48 40 input) in
    let? candidate := decode_generation (field 88 40 input) in
    if negb (mode =? 2) && has_flag flags 8 then Err EINVAL
    else
      let eligible :=
        if mode =? 0 then is_none protected && reusable_after candidate active
        else if mode =? 1 then
          is_some_and protected (fun source => is_some (g_slot source) && (0 <? g_number source)
            && predecessor_of source active && is_some (g_slot candidate) && (0 <? g_number candidate)
            && (g_number candidate <? g_number source) && negb (same_slot (g_slot candidate) (g_slot source)) && negb (same_slot (g_slot candidate) (g_slot active)))
        else if mode =? 2 then
          (g_number active =? 2) && is_some_and protected (fun source => (g_number source =? 1) && predecessor_of source active)
          && is_none (g_slot candidate) && (g_number candidate =? 0) && has_flag flags 8
        else
          is_some (g_slot candidate) && negb (same_slot (g_slot candidate) (g_slot active))
          && is_none_or protected (fun source => negb (same_slot (g_slot candidate) (g_slot source))) in
      Ok (if eligible then 1 else 0).

Definition reclaim_unpublished (input : list Z) : result Z :=
  let? flags := header input (8 + 2 * WIRE_BYTES + 2 * POINT_BYTES) 3 in
  let? selected := identity (field 128 120 input) in
  let? protected := optional (has_flag flags 2) decode_generation (field 248 40 input) in
  let? candidate := decode_generation (field 288 40 input) in
  if negb (has_flag flags 1) then if negb (all_zero (field 8 120 input)) then Err EINVAL else Ok 0
  else
    let? active := from_wire (field 8 120 input) in
    let? _ := validate active in
    if negb (same_identity active selected) then Err EIO
    else
      let active := mkGeneration (slot active) (generation active) in
      Ok (if is_some (g_slot active) && is_some (g_slot candidate) && (g_number candidate =? 0)
             && negb (same_slot (g_slot candidate) (g_slot active))
             && is_some_and protected (fun source => (0 <? g_number source)
                  && predecessor_of source active && negb (same_slot (g_slot candidate) (g_slot source)))
          then 1 else 0).

(** Which of two generations is newer, in either direction. *)
Definition generation_order (input : list Z) : result Z :=
  let? flags := header input (8 + 2 * POINT_BYTES) 1 in
  let? a := decode_generation (field 8 40 input) in
  let? a := sealed a in
  let? b := decode_generation (field 48 40 input) in
  let? b := sealed b in
  Ok (if g_number a =? g_number b then if negb (same_slot (g_slot a) (g_slot b)) then 3 else 0
      else if g_number a <? g_number b then if flags =? 0 then 1 else 2
      else if flags =? 0 then 2 else 1).

Definition source_relation (input : list Z) : result Z :=
  let? _ := header input (8 + 3 * POINT_BYTES) 0 in
  let? active := decode_generation (field 8 40 input) in
  let? active := sealed active in
  let? source := decode_generation (field 48 40 input) in
  if negb (g_number source =? 0) then Err EINVAL
  else
    let? other := decode_generation (field 88 40 input) in
    Ok (if same_slot (g_slot source) (g_slot active) then 3
        else if negb (same_slot (g_slot source) (g_slot other)) then 0
        else if predecessor_of other active then 2 else 1).

Definition policy_codec (operation : Z) (input output : list Z) : list Z * result Z :=
  match (if operation =? 21 then generation_order input
         else if operation =? 22 then candidate_role input
         else if operation =? 23 then source_relation input
         else if operation =? 24 then retention input
         else if operation =? 25 then reclaim_unpublished input
         else Err EINVAL) with
  | Err e => (output, Err e)
  | Ok r => if lenZ output <? 4 then (output, Err EINVAL) else (le_bytes 4 r ++ drop 4 output, Ok 4)
  end.
