(* ===== verification/OverlayThms.v ===== *)
(** * Overlay activation: theorems

    The stored and the exchanged form of a record lose nothing; of the two
    control records the newer is chosen; storage that is in use is never
    given away. *)

From S2P Require Import Prelude OverlayActivation OverlayPolicy.

Abbreviation is_byte := (fun b : Z => 0 <= b < 256).

(** ** Fields of a concatenation *)

Lemma field_at parts i p off n : parts !! i = Some p -> off = length (concat (take i parts)) -> n = length p -> field off n (concat parts) = p.
Proof.
  intros Hp -> ->. unfold field. rewrite <- (take_drop_middle parts i p Hp) at 2. rewrite concat_app. simpl. by rewrite drop_app_length, take_app_length.
Qed.

Lemma le_bytes_value l : Forall is_byte l -> le_bytes (length l) (le_value l) = l.
Proof.
  induction 1 as [|b l Hb _ IH]; [done|]. simpl. f_equal.
  - rewrite Z.mul_comm, Z.mod_add by lia. by apply Z.mod_small.
  - rewrite Z.mul_comm, Z.div_add by lia. rewrite Z.div_small by done. by rewrite Z.add_0_l.
Qed.

Lemma le_value_range l : Forall is_byte l -> 0 <= le_value l < 256 ^ lenZ l.
Proof.
  induction 1 as [|b l Hb _ IH]; [done|]. cbn [le_value length]. rewrite Nat2Z.inj_succ, Z.pow_succ_r by lia. lia.
Qed.

Lemma le_value_small n x : 0 <= x < 256 ^ Z.of_nat n -> le_value (le_bytes n x) = x.
Proof. intros H. rewrite le_value_bytes. by apply Z.mod_small. Qed.

(** ** Records *)

(** The record fits its types. *)
Definition record_ok (r : ActivationRecord) : Prop :=
  0 <= sequence r /\ 0 <= generation r /\ (forall s, slot r = Some s -> 0 <= s)
  /\ length (base_digest r) = 32%nat /\ length (seal_digest r) = 32%nat.

Lemma validate_ok r : validate r = Ok tt <->
  (sequence r <> 0 /\ sequence r <= MAX_SAFE_INTEGER /\ generation r <= MAX_SAFE_INTEGER /\ (slot r = None <-> generation r = 0)
   /\ (forall s, slot r = Some s -> s < MAX_SAFE_INTEGER) /\ (slot r = None -> seal_digest r = zero32)).
Proof.
  unfold validate. split.
  - destruct (_ || _) eqn:E; [done|]. intros _. rewrite !orb_false_iff in E. destruct E as [[[[[E1 E2] E3] E4] E5] E6].
    apply Z.eqb_neq in E1. apply Z.ltb_ge in E2, E3. apply negb_false_iff, Bool.eqb_prop in E4. destruct (slot r) as [s|]; simpl in *.
    + apply Z.leb_gt in E5. symmetry in E4. apply Z.eqb_neq in E4. split_and!; [done..| |by intros s' [= <-]|done]. split; [done|done].
    + symmetry in E4. apply Z.eqb_eq in E4. apply negb_false_iff, bool_decide_eq_true in E6. split_and!; done.
  - intros (H1 & H2 & H3 & H4 & H5 & H6). rewrite (proj2 (Z.eqb_neq _ _) H1), (proj2 (Z.ltb_ge _ _) H2), (proj2 (Z.ltb_ge _ _) H3). simpl.
    destruct (slot r) as [s|]; simpl.
    + rewrite (proj2 (Z.leb_gt _ _) (H5 s eq_refl)). destruct (Z.eqb_spec (generation r) 0) as [E|E]; [by apply H4 in E|done].
    + rewrite (proj2 (Z.eqb_eq _ _) (proj1 H4 eq_refl)), bool_decide_true by auto. done.
Qed.

Section Digest.
Context (sha256 : list Z -> list Z) (sha256_length : forall l, length (sha256 l) = 32%nat).

Lemma body_length r : record_ok r -> length (record_body r) = 96%nat.
Proof. intros (_ & _ & _ & H1 & H2). unfold record_body, body_parts. cbn [concat]. rewrite !length_app, !length_le_bytes, H1, H2. done. Qed.

(** A part of the body is a field of the stored record. *)
Lemma body_field r off n i p : body_parts r !! i = Some p -> off = length (concat (take i (body_parts r))) -> n = length p ->
  field off n (record_body r ++ sha256 (record_body r)) = p.
Proof.
  intros Hp Hoff Hn. replace (record_body r ++ sha256 (record_body r)) with (concat (body_parts r ++ [sha256 (record_body r)])).
  - apply (field_at _ i); [exact (lookup_app_l_Some _ _ _ _ Hp)| |done]. rewrite take_app_le; [done|]. apply lookup_lt_Some in Hp. lia.
  - rewrite concat_app. cbn [concat]. by rewrite app_nil_r.
Qed.

Lemma decode_encode_record r : record_ok r -> validate r = Ok tt -> exists bytes, encode sha256 r = Ok bytes /\ decode sha256 bytes = Ok r /\ length bytes = 128%nat.
Proof.
  intros Hr Hv. unfold encode. rewrite Hv. eexists. split; [done|]. pose proof (body_length r Hr) as Hb. set (bytes := record_body r ++ _).
  assert (length bytes = 128%nat) as Hl by (unfold bytes; rewrite length_app, Hb, sha256_length; done). split; [|done].
  pose proof (fun off n i p => body_field r off n i p) as Hf. fold bytes in Hf.
  destruct Hr as (R1 & R2 & R3 & R4 & R5). apply validate_ok in Hv as Hv'. destruct Hv' as (V1 & V2 & V3 & V4 & V5 & V6).
  assert (MAX_SAFE_INTEGER < 256 ^ 8) as Hsafe by (by vm_compute).
  unfold decode, read_u32, read_u64. rewrite Hl. rewrite (Hf 0%nat 4%nat 0%nat koga) by done. rewrite (Hf 4%nat 4%nat 1%nat (le_bytes 4 1)) by done.
  rewrite (Hf 8%nat 8%nat 2%nat (le_bytes 8 (sequence r))) by done. rewrite (Hf 16%nat 8%nat 3%nat (le_bytes 8 (generation r))) by done.
  rewrite (Hf 24%nat 8%nat 4%nat _ eq_refl) by done. rewrite (Hf 32%nat 32%nat 5%nat (base_digest r)) by done.
  rewrite (Hf 64%nat 32%nat 6%nat (seal_digest r)); [|done|by unfold body_parts; cbn [take concat]; rewrite !length_app, !length_le_bytes, R4|done].
  assert (field 0 96 bytes = record_body r /\ drop 96 bytes = sha256 (record_body r)) as [-> ->].
  { unfold field, bytes. by rewrite drop_0, take_app_length', drop_app_length'. }
  rewrite !bool_decide_true by done. simpl negb. rewrite !le_value_small by (change (Z.of_nat 8) with 8; lia). 
  assert (checked_sub (le_value (le_bytes 8 (match slot r with Some s => s + 1 | None => 0 end))) 1 = slot r) as ->.
  { destruct (slot r) as [s|]; [|done]. specialize (R3 s eq_refl). specialize (V5 s eq_refl). rewrite le_value_small by (change (Z.of_nat 8) with 8; lia).
    unfold checked_sub. rewrite (proj2 (Z.leb_le _ _)) by lia. f_equal. lia. }
  replace (mkActivation _ _ _ _ _) with r by (by destruct r). by rewrite Hv.
Qed.

Lemma field_split off n m l : field off (n + m) l = field off n l ++ field (off + n) m l.
Proof. unfold field. rewrite <- drop_drop. symmetry. apply take_take_drop. Qed.

Lemma length_field off n l : (off + n <= length l)%nat -> length (field off n l) = n.
Proof. intros H. unfold field. rewrite length_take, length_drop. lia. Qed.

Lemma field_bytes off n l : Forall is_byte l -> Forall is_byte (field off n l).
Proof. intros H. by apply Forall_take, Forall_drop. Qed.

Lemma le_field off n l : Forall is_byte l -> (off + n <= length l)%nat -> le_bytes n (le_value (field off n l)) = field off n l.
Proof. intros H Hn. rewrite <- (length_field off n l Hn) at 1. by apply le_bytes_value, field_bytes. Qed.

Lemma encode_decode bytes r : Forall is_byte bytes -> decode sha256 bytes = Ok r -> encode sha256 r = Ok bytes /\ record_ok r.
Proof.
  intros Hb. unfold decode. destruct (_ || _) eqn:E; [done|]. rewrite !orb_false_iff in E. destruct E as [[[E1 E2] E3] E4].
  apply negb_false_iff in E1, E2, E3, E4. apply Z.eqb_eq in E1, E3. apply bool_decide_eq_true in E2, E4. unfold RECORD_BYTES in E1.
  set (r0 := mkActivation _ _ _ _ _). destruct (validate r0) as [[]|] eqn:Ev; [|done]. intros [= <-].
  assert (length bytes = 128%nat) as Hl by lia.
  pose proof (le_value_range (field 8 8 bytes) (field_bytes _ _ _ Hb)). pose proof (le_value_range (field 16 8 bytes) (field_bytes _ _ _ Hb)).
  pose proof (le_value_range (field 24 8 bytes) (field_bytes _ _ _ Hb)) as H24. split.
  - unfold encode. rewrite Ev. f_equal. assert (record_body r0 = field 0 96 bytes) as Hbody.
    { rewrite (field_split 0 4 92), (field_split 4 4 88), (field_split 8 8 80), (field_split 16 8 72), (field_split 24 8 64), (field_split 32 32 32). simpl Nat.add.
      unfold record_body, body_parts. cbn [concat r0 sequence generation slot base_digest seal_digest]. rewrite app_nil_r. unfold read_u32, read_u64 in *.
      rewrite !le_field by (done || lia). f_equal; [done|]. f_equal; [rewrite <- E3; apply le_field; [done|lia]|]. do 2 f_equal. f_equal.
      transitivity (le_bytes 8 (le_value (field 24 8 bytes))); [|apply le_field; [done|lia]]. f_equal. unfold checked_sub. destruct (Z.leb_spec 1 (le_value (field 24 8 bytes))); cbn beta iota; lia. }
    rewrite Hbody, E4. unfold field. rewrite drop_0. apply take_drop.
  - unfold r0, read_u64. split_and!; cbn [sequence generation slot base_digest seal_digest]; [lia|lia| |apply length_field; lia|apply length_field; lia].
    intros s. unfold checked_sub. destruct (Z.leb_spec 1 (le_value (field 24 8 bytes))); [intros [= <-]; lia|done].
Qed.
End Digest.

(** ** The wire *)

Lemma wire_integer_f64 bytes off x : 0 <= x <= MAX_SAFE_INTEGER -> field off 8 bytes = le_bytes 8 (f64_bits x) -> wire_integer bytes off = Ok x.
Proof.
  intros Hx Hf. unfold wire_integer, read_u64. rewrite Hf. unfold f64_bits. destruct (Z.eqb_spec x 0) as [->|Hne]; [done|].
  pose proof (Z.log2_spec x ltac:(lia)) as [Hlo Hhi]. set (e := Z.log2 x) in *. assert (0 <= e <= 52) as He.
  { split; [apply Z.log2_nonneg|]. assert (e < 53) by (apply Z.log2_lt_pow2; unfold MAX_SAFE_INTEGER in Hx; lia). lia. }
  unfold shifted. rewrite (proj2 (Z.leb_le 0 (52 - e))) by lia. rewrite Z.shiftl_mul_pow2 by lia. set (p := 2 ^ (52 - e)). set (s := x * p).
  assert (2 ^ e * p = 2 ^ 52) as Hp by (unfold p; rewrite <- Z.pow_add_r by lia; f_equal; lia).
  assert (2 ^ 52 <= s < 2 ^ 53) as Hs.
  { assert (0 < p) by (apply Z.pow_pos_nonneg; lia). rewrite Z.pow_succ_r in Hhi by lia. change (2 ^ 53) with (2 * 2 ^ 52). rewrite <- Hp. unfold s. nia. }
  set (bits := (e + 1023) * 2 ^ 52 + (s - 2 ^ 52)). assert (0 <= bits < 2 ^ 63) as Hbits by (unfold bits; lia).
  rewrite le_value_small by (change (256 ^ Z.of_nat 8) with (2 ^ 64); lia).
  change (2 ^ 63 - 1) with (Z.ones 63). change (2 ^ 52 - 1) with (Z.ones 52). change 2047 with (Z.ones 11).
  rewrite !Z.land_ones by lia. rewrite !Z.shiftr_div_pow2 by lia. rewrite (Z.mod_small bits) by lia. rewrite (Z.div_small bits (2 ^ 63)) by lia.
  rewrite (proj2 (Z.eqb_neq bits 0)) by (unfold bits; lia).
  assert (bits / 2 ^ 52 = e + 1023) as -> by (unfold bits; rewrite Z.div_add_l by lia; rewrite Z.div_small by lia; lia).
  rewrite (Z.mod_small (e + 1023)) by (change (2 ^ 11) with 2048; lia). replace (e + 1023 - 1023) with e by lia.
  rewrite (proj2 (Z.leb_le 0 e)), (proj2 (Z.leb_le e 52)) by lia. cbn [negb orb andb]. change (0 =? 0) with true. cbn [negb orb].
  assert (bits mod 2 ^ 52 = s - 2 ^ 52) as -> by (unfold bits; rewrite Z.add_comm, Z.mod_add by lia; apply Z.mod_small; lia).
  assert (Z.lor (s - 2 ^ 52) (Z.shiftl 1 52) = s) as ->.
  { change (Z.shiftl 1 52) with (2 ^ 52). rewrite <- Z.lxor_lor, <- Z.add_nocarry_lxor; [lia| |].
    all: apply Z.bits_inj'; intros k Hk; rewrite Z.land_spec, Z.bits_0, Z.pow2_bits_eqb by lia; destruct (Z.eqb_spec 52 k) as [<-|]; [|by rewrite andb_false_r];
      rewrite andb_true_r; apply Z.bits_above_log2; [lia|]; destruct (Z.eq_dec (s - 2 ^ 52) 0) as [->|]; [done|apply Z.log2_lt_pow2; lia]. }
  rewrite Z.shiftl_mul_pow2, Z.mul_1_l by lia. fold p. replace (p - 1) with (Z.ones (52 - e)) by (rewrite Z.ones_equiv; fold p; lia).
  rewrite Z.land_ones by lia. fold p. assert (s mod p = 0) as -> by (unfold s; apply Z.mod_mul; unfold p; apply Z.pow_nonzero; lia).
  change (0 =? 0) with true. cbn [negb]. f_equal. rewrite Z.shiftr_div_pow2 by lia. fold p. unfold s. apply Z.div_mul. unfold p. apply Z.pow_nonzero; lia.
Qed.

Definition digit (b : Z) : Prop := 48 <= b <= 57.
Definition decimal (l : list Z) (k : Z) : Z := fold_left (fun a d => a * 10 + (d - digit_0)) l k.

Lemma decimal_grows l k : Forall digit l -> 0 <= k -> k <= decimal l k.
Proof.
  intros H. revert k. induction H as [|d l Hd _ IH]; intros k Hk; simpl; [lia|]. unfold digit, digit_0 in *. specialize (IH (k * 10 + (d - 48)) ltac:(lia)). lia.
Qed.

Lemma parse_digits_decimal l k : Forall digit l -> 0 <= k -> decimal l k <= u64_max -> parse_digits l k = Ok (decimal l k).
Proof.
  intros H. revert k. induction H as [|d l Hd Hl IH]; intros k Hk Hm; simpl; [done|]. unfold digit in Hd. unfold is_ascii_digit.
  rewrite (proj2 (Z.leb_le 48 d)), (proj2 (Z.leb_le d 57)) by lia. simpl. cbn [decimal fold_left] in Hm.
  assert (0 <= k * 10 + (d - digit_0)) as Hn by (unfold digit_0; lia). pose proof (decimal_grows l _ Hl Hn) as Hg. unfold decimal in Hg.
  split_checked H1; [|unfold digit_0 in *; lia]. split_checked H2; [|lia]. by apply IH.
Qed.

Lemma write_digits_spec fuel n acc : 0 <= n < 10 ^ Z.of_nat (S fuel) ->
  exists ds, write_digits (S fuel) n acc = ds ++ acc /\ (1 <= length ds <= S fuel)%nat /\ Forall digit ds
    /\ (forall k, decimal ds k = k * 10 ^ lenZ ds + n) /\ (0 < n -> head ds <> Some digit_0) /\ (n = 0 -> length ds = 1%nat).
Proof.
  revert n acc. induction fuel as [|fuel IH]; intros n acc Hn; pose proof (Z.mod_pos_bound n 10 ltac:(lia)) as Hm; pose proof (Z.div_mod n 10 ltac:(lia)) as Hd;
    change (write_digits (S ?f) n acc) with (let acc := digit_0 + n mod 10 :: acc in if n / 10 =? 0 then acc else write_digits f (n / 10) acc); cbv zeta.
  1: assert (n / 10 = 0) as E by (apply Z.div_small; simpl in Hn; lia). 2: destruct (Z.eqb_spec (n / 10) 0) as [E|E].
  1: rewrite (proj2 (Z.eqb_eq _ _) E).
  1, 2: exists [digit_0 + n mod 10]; split_and!; [done|simpl; lia|simpl; lia|apply Forall_singleton; unfold digit, digit_0; lia
    |intros k; unfold decimal; cbn [fold_left length]; change (10 ^ Z.of_nat 1) with 10; unfold digit_0; lia
    |intros Hpos [= Heq]; unfold digit_0 in Heq; lia|done].
  assert (0 <= n / 10) as Hq by (apply Z.div_pos; lia).
  destruct (IH (n / 10) (digit_0 + n mod 10 :: acc)) as (ds & -> & H1 & H2 & H3 & H4 & _).
  { split; [done|]. apply Z.div_lt_upper_bound; [lia|]. rewrite (Nat2Z.inj_succ (S fuel)), Z.pow_succ_r in Hn by lia. lia. }
  exists (ds ++ [digit_0 + n mod 10]). rewrite <- app_assoc, length_app. cbn [app length]. split_and!; [done|lia|lia| | | |].
  - apply Forall_app. split; [done|]. apply Forall_singleton. unfold digit, digit_0. lia.
  - intros k. unfold decimal. rewrite fold_left_app. cbn [fold_left]. fold (decimal ds k). rewrite H3. rewrite Nat2Z.inj_add, Z.pow_add_r by lia. change (10 ^ Z.of_nat 1) with 10. unfold digit_0. lia.
  - intros _. specialize (H4 ltac:(lia)). by destruct ds as [|d ds]; [simpl in H1; lia|].
  - intros ->. done.
Qed.

Lemma slot_text_parses s : (forall n, s = Some n -> 0 <= n < MAX_SAFE_INTEGER) -> parse_wire_slot (slot_text s) = Ok s /\ (length (slot_text s) <= 24)%nat.
Proof.
  intros Hs. destruct s as [n|]; [|split; [done|simpl; lia]]. specialize (Hs n eq_refl). assert (MAX_SAFE_INTEGER < 10 ^ Z.of_nat 20) as Hmax by (by vm_compute).
  destruct (write_digits_spec 19 n [] ltac:(lia)) as (ds & Hw & Hl & Hd & Hv & Hh & Hz). rewrite app_nil_r in Hw. unfold slot_text. rewrite Hw. split; [|simpl; lia].
  unfold parse_wire_slot. rewrite bool_decide_false by (intros [= E _]; done). cbn [length]. rewrite (proj2 (Z.ltb_ge _ 2)) by lia. cbn [orb].
  rewrite bool_decide_true by done. cbn [negb orb]. change (drop 1 (letter_g :: ds)) with ds.
  assert ((2 <? Z.of_nat (S (length ds))) && bool_decide ((letter_g :: ds) !! 1%nat = Some digit_0) = false) as ->.
  { destruct (decide (n = 0)) as [E|E]; [rewrite (Hz E); done|]. apply andb_false_iff. right. apply bool_decide_false. intros H. apply Hh; [lia|]. by destruct ds. }
  rewrite parse_digits_decimal; [|done|lia|]; rewrite Hv, Z.mul_0_l, Z.add_0_l; [|unfold MAX_SAFE_INTEGER, u64_max in *; lia].
  by rewrite (proj2 (Z.leb_gt MAX_SAFE_INTEGER n)) by lia.
Qed.

(** What the host is sent is what was meant. *)
Lemma from_to_wire r : record_ok r -> validate r = Ok tt -> from_wire (to_wire r) = Ok r /\ length (to_wire r) = 120%nat.
Proof.
  intros (R1 & R2 & R3 & R4 & R5) Hv. apply validate_ok in Hv as (V1 & V2 & V3 & V4 & V5 & V6).
  destruct (slot_text_parses (slot r)) as [Hparse Htext]; [intros n Hn; split; [by apply R3|by apply V5]|].
  pose proof (fun off n i p => field_at (wire_parts r) i p off n) as Hf. set (text := slot_text (slot r)) in *.
  assert (forall i, length (concat (take i (wire_parts r))) = list_sum (map (@length Z) (take i (wire_parts r)))) as Hsum.
  { intros i. apply length_concat. }
  assert (map (@length Z) (wire_parts r) = [8; 8; 4; 4; 4; 4; 32; 32; length text; 24 - length text]%nat) as Hlens.
  { unfold wire_parts. cbn [map]. rewrite !length_le_bytes, !length_replicate, R4, R5. done. }
  assert (forall i, length (concat (take i (wire_parts r))) = list_sum (take i [8; 8; 4; 4; 4; 4; 32; 32; length text; 24 - length text]%nat)) as Hoff.
  { intros i. rewrite Hsum, <- firstn_map, Hlens. done. }
  assert (length (to_wire r) = 120%nat) as Hl.
  { unfold to_wire. rewrite <- (firstn_all (wire_parts r)), Hoff. unfold wire_parts. simpl. lia. }
  split; [|done]. unfold from_wire, read_u32. rewrite Hl. unfold to_wire.
  rewrite (Hf 20%nat 4%nat 3%nat (le_bytes 4 32)), (Hf 24%nat 4%nat 4%nat (le_bytes 4 32)), (Hf 28%nat 4%nat 5%nat (replicate 4 0)) by (rewrite ?Hoff; done).
  rewrite (Hf 16%nat 4%nat 2%nat (le_bytes 4 (lenZ text))) by (rewrite ?Hoff; done). cbn [negb orb].
  rewrite (le_value_small 4 (lenZ text)) by (change (256 ^ Z.of_nat 4) with (2 ^ 32); lia). rewrite Nat2Z.id.
  rewrite (Hf 96%nat (length text) 8%nat text) by (rewrite ?Hoff; done).
  rewrite (Hf 32%nat 32%nat 6%nat (base_digest r)), (Hf 64%nat 32%nat 7%nat (seal_digest r)) by (rewrite ?Hoff; done).
  rewrite (wire_integer_f64 _ 0 (sequence r)); [|lia|apply (Hf _ _ 0%nat); rewrite ?Hoff; done].
  rewrite (wire_integer_f64 _ 8 (generation r)); [|lia|apply (Hf _ _ 1%nat); rewrite ?Hoff; done].
  rewrite (proj2 (Z.ltb_ge 24 (lenZ text))) by lia. rewrite Hparse. by destruct r.
Qed.

(** ** Theorems *)

Section Codec.
Context (sha256 : list Z -> list Z) (sha256_length : forall l, length (sha256 l) = 32%nat).

(** C34. Records survive storage and exchange. A valid record is stored as 128
    bytes that decode to it and sent as 120 bytes that read back as it, its
    numbers through floating point and its slot through decimal; a record that
    decodes has exactly one stored form; storing what the host sent and
    sending what is stored are inverse. *)
Theorem activation_records_roundtrip r : record_ok r -> validate r = Ok tt ->
  (exists stored, encode sha256 r = Ok stored /\ length stored = 128%nat /\ decode sha256 stored = Ok r
     /\ forall out, 128 <= lenZ out -> codec sha256 0 (to_wire r) out = (stored ++ drop 128 out, Ok 128)
          /\ codec sha256 1 stored out = (to_wire r ++ drop 120 out, Ok 120))
  /\ from_wire (to_wire r) = Ok r
  /\ forall bytes, Forall is_byte bytes -> decode sha256 bytes = Ok r -> encode sha256 r = Ok bytes.
Proof.
  intros Hr Hv. destruct (decode_encode_record sha256 sha256_length r Hr Hv) as (stored & He & Hd & Hl). destruct (from_to_wire r Hr Hv) as [Hw Hwl]. split_and!; [|done|].
  - exists stored. split_and!; [done|done|done|]. intros out Hout. 
    unfold codec, codec_result. change (0 =? 0) with true. change (1 =? 0) with false. change (1 =? 1) with true. cbn beta iota. rewrite Hw, Hd. cbn beta iota. rewrite He, Hl, Hwl.
    by rewrite (proj2 (Z.ltb_ge (lenZ out) (Z.of_nat 128))), (proj2 (Z.ltb_ge (lenZ out) (Z.of_nat 120))) by lia.
  - intros bytes Hb Hdb. by apply (encode_decode sha256 bytes r Hb).
Qed.
End Codec.

(** One activation follows another. *)
Definition succeeds (a b : ActivationRecord) : Prop := exists identity, next_activation (Some a) identity = Ok b.

Lemma same_identity_spec a b : same_identity a b = true <-> a = with_sequence b (sequence a).
Proof.
  unfold same_identity. rewrite !andb_true_iff, !bool_decide_eq_true, Z.eqb_eq. destruct a, b; simpl. split; [intros [[[-> ->] ->] ->]; done|by intros [= -> -> -> ->]].
Qed.

Lemma succeeds_spec a b : succeeds a b -> validate a = Ok tt /\ validate b = Ok tt /\ base_digest b = base_digest a
  /\ (b = a \/ sequence b = sequence a + 1 /\ generation b = generation a + 1).
Proof.
  intros (i & H). unfold next_activation in H. destruct (validate a) as [[]|] eqn:Ea; [|done]. cbn beta iota in H. destruct (same_identity a i) eqn:Es; simpl in H.
  - destruct (validate (with_sequence i (sequence a))) as [[]|] eqn:Ev; [|done]. injection H as <-. apply same_identity_spec in Es. rewrite <- Es. split_and!; try done. by left.
  - destruct (negb (generation i =? _) || _) eqn:Eg; [done|]. destruct (validate (with_sequence i (sequence a + 1))) as [[]|] eqn:Ev; [|done]. injection H as <-.
    apply orb_false_iff in Eg as [G1%negb_false_iff%Z.eqb_eq G2%negb_false_iff%bool_decide_eq_true]. split_and!; try done. by right.
Qed.

Lemma chain_spec a b : rtc succeeds a b -> validate a = Ok tt -> validate b = Ok tt /\ base_digest b = base_digest a
  /\ sequence b - sequence a = generation b - generation a /\ sequence a <= sequence b /\ (sequence a = sequence b -> b = a).
Proof.
  intros H. induction H as [a|a x b Hax _ IH]; intros Ha; [split_and!; (done || lia)|]. destruct (succeeds_spec _ _ Hax) as (_ & Hx & E1 & E2).
  destruct (IH Hx) as (I1 & I2 & I3 & I4 & I5). destruct E2 as [->|[E2 E3]]; [split_and!; (done || lia)|]. split_and!; [done|congruence|lia|lia|lia].
Qed.

(** The newer control record wins. Along any succession of activations the
    base image stays the same, the sequence number grows by one with every new
    generation, and of two records of the succession, in either place, the
    later is selected; if one of the two is missing or damaged the other is. *)
Theorem newest_activation_selected a b invalid : validate a = Ok tt -> rtc succeeds a b ->
  select_activation (Some a) (Some b) invalid = Ok (Some b) /\ select_activation (Some b) (Some a) invalid = Ok (Some b)
  /\ select_activation (Some b) None invalid = Ok (Some b) /\ select_activation None (Some a) invalid = Ok (Some a)
  /\ base_digest b = base_digest a /\ sequence b - sequence a = generation b - generation a /\ 0 <= sequence b - sequence a.
Proof.
  intros Ha Hab. destruct (chain_spec a b Hab Ha) as (Hb & Hbase & Hgen & Hle & Heq). unfold select_activation, validate_option. rewrite Ha, Hb. cbn beta iota.
  assert (forall x, same_identity x x = true) as Hrefl by (intros x; apply same_identity_spec; by destruct x).
  split_and!; try done; [| |lia].
  - destruct (Z.eqb_spec (sequence a) (sequence b)) as [E|E]; [rewrite (Heq E), Hrefl; simpl; by rewrite Z.leb_refl|]. simpl. by rewrite (proj2 (Z.leb_gt _ _)) by lia.
  - destruct (Z.eqb_spec (sequence b) (sequence a)) as [E|E]; [rewrite (Heq (eq_sym E)), Hrefl; simpl; by rewrite Z.leb_refl|]. simpl. by rewrite (proj2 (Z.leb_le _ _)) by lia.
Qed.

(** ** Reclaiming *)

Lemma decode_generation_slot bytes g : decode_generation bytes = Ok g -> g_number g <> 0 -> g_slot g <> None.
Proof.
  unfold decode_generation. destruct (_ || _); [done|]. destruct (_ || _); [done|]. destruct (parse_wire_slot _) as [s|]; [|done]. cbn beta iota.
  destruct (wire_integer bytes 0) as [n|]; [|done]. cbn beta iota. destruct (is_none s && negb (n =? 0)) eqn:E; [done|]. intros [= <-] Hn. simpl in *. intros ->.
  simpl in E. apply negb_false_iff, Z.eqb_eq in E. done.
Qed.

Lemma optional_spec {A} present (f : list Z -> result A) bytes r : optional present f bytes = Ok r ->
  match r with Some a => present = true /\ f bytes = Ok a | None => present = false end.
Proof. unfold optional. destruct present; [|destruct (negb _); [done|]; by intros [= <-]]. destruct (f bytes) as [a|]; [|done]. by intros [= <-]. Qed.

Ltac split_bools := repeat match goal with H : _ && _ = true |- _ => apply andb_true_iff in H as [? H] end;
  repeat match goal with H : negb _ = true |- _ => apply negb_true_iff in H | H : same_slot _ _ = false |- _ => apply bool_decide_eq_false in H
    | H : (_ =? _) = true |- _ => apply Z.eqb_eq in H | H : (_ <? _) = true |- _ => apply Z.ltb_lt in H end.

(** C35. Storage in use is never given away. When the retention of a generation
    is decided in its disfavour, in any mode, or an unpublished generation may
    be reclaimed, its slot is neither that of the active generation nor that
    of the generation protected with it. *)
Theorem used_storage_is_kept input :
  (retention input = Ok 1 ->
     exists active candidate, decode_generation (field 8 40 input) = Ok active /\ decode_generation (field 88 40 input) = Ok candidate
       /\ g_slot candidate <> g_slot active
       /\ (has_flag (read_u32 input 0) 4 = true -> exists source, decode_generation (field 48 40 input) = Ok source /\ g_slot candidate <> g_slot source))
  /\ (reclaim_unpublished input = Ok 1 ->
     exists active source candidate, from_wire (field 8 120 input) = Ok active /\ decode_generation (field 248 40 input) = Ok source
       /\ decode_generation (field 288 40 input) = Ok candidate /\ g_number candidate = 0
       /\ g_slot candidate <> slot active /\ g_slot candidate <> g_slot source /\ g_number source + 1 = generation active).
Proof.
  split.
  - unfold retention, header. destruct (_ || _); [done|]. destruct (negb _); [done|]. cbn beta iota zeta. set (flags := read_u32 input 0).
    destruct (decode_generation (field 8 40 input)) as [active|] eqn:Ea; [|done]. cbn beta iota. destruct (_ && _); [done|].
    destruct (optional _ _ _) as [protected|] eqn:Ep; [|done]. cbn beta iota. destruct (decode_generation (field 88 40 input)) as [candidate|] eqn:Ec; [|done]. cbn beta iota.
    destruct (_ && _); [done|]. set (mode := Z.land flags 3). intros H. apply optional_spec in Ep. exists active, candidate. split; [done|]. split; [done|].
    enough (g_slot candidate <> g_slot active /\ is_none_or protected (fun source => negb (same_slot (g_slot candidate) (g_slot source))) = true) as [H1 H2].
    { split; [done|]. intros Hf. destruct protected as [source|]; [|congruence]. exists source. split; [apply Ep|]. simpl in H2. by apply negb_true_iff, bool_decide_eq_false in H2. }
    destruct (_ =? 0) in H; [|destruct (_ =? 1) in H; [|destruct (_ =? 2) in H]].
    + destruct (is_none protected && _) eqn:E; [|done]. apply andb_true_iff in E as [E1 E2]. unfold reusable_after in E2. split_bools. by destruct protected.
    + destruct protected as [source|]; [|done]. destruct (is_some_and _ _) eqn:E; [|done]. simpl in E. split_bools. split; [done|]. simpl. by apply negb_true_iff, bool_decide_false.
    + destruct (_ && has_flag flags 8) eqn:E; [|done]. destruct protected as [source|]; [|by rewrite andb_false_r in E]. simpl in E. split_bools.
      destruct (g_slot candidate); [done|]. split; [intros Hn; symmetry in Hn; by apply (decode_generation_slot _ _ Ea); [lia|]|].
      simpl. apply negb_true_iff, bool_decide_false. intros Hn. symmetry in Hn. apply (decode_generation_slot _ _ (proj2 Ep)); [lia|done].
    + destruct (_ && is_none_or _ _) eqn:E; [|done]. split_bools. split; [done|]. done.
  - unfold reclaim_unpublished, header. destruct (_ || _); [done|]. destruct (negb _); [done|]. cbn beta iota zeta. set (flags := read_u32 input 0).
    destruct (identity _) as [selected|]; [|done]. cbn beta iota. destruct (optional _ _ _) as [protected|] eqn:Ep; [|done]. cbn beta iota.
    destruct (decode_generation (field 288 40 input)) as [candidate|] eqn:Ec; [|done]. cbn beta iota. destruct (negb (has_flag flags 1)); [destruct (negb _); done|].
    destruct (from_wire _) as [active|] eqn:Ea; [|done]. cbn beta iota. destruct (validate active); [|done]. cbn beta iota. destruct (negb _); [done|].
    destruct (_ && is_some_and _ _) eqn:E; [|done]. intros _. apply optional_spec in Ep. destruct protected as [source|]; [|by rewrite andb_false_r in E]. simpl in E. unfold predecessor_of in E. split_bools.
    exists active, source, candidate. split_and!; try done; [apply Ep|].
    repeat match goal with H : bool_decide (checked_add _ _ _ = _) = true |- _ => apply bool_decide_eq_true in H; revert H; split_checked Hx; [by intros [= ?]|done] end.
Qed.

(** ** Witnesses *)

Definition first_record : ActivationRecord := mkActivation 1 0 None (replicate 32 7) zero32.
Definition second_record : ActivationRecord := mkActivation 2 1 (Some 12) (replicate 32 7) (replicate 32 9).

Lemma activation_records_roundtrip_witness : exists stored, decode (fun _ => replicate 32 5) stored = Ok second_record /\ from_wire (to_wire second_record) = Ok second_record.
Proof.
  destruct (activation_records_roundtrip (fun _ => replicate 32 5) (fun _ => eq_refl) second_record) as ((stored & _ & _ & H & _) & H' & _).
  - split_and!; try reflexivity; try (cbn; lia). intros s [= <-]. lia.
  - vm_compute. reflexivity.
  - exists stored. split; [exact H|exact H'].
Defined.

Lemma newest_activation_selected_witness : select_activation (Some second_record) (Some first_record) false = Ok (Some second_record).
Proof.
  apply (newest_activation_selected first_record second_record false).
  - vm_compute. reflexivity.
  - apply rtc_once. exists second_record. vm_compute. reflexivity.
Defined.

(** Generation 1 in slot 5 when generation 2 in slot 6 is active. *)
Definition point (s : option Z) (n : Z) : list Z :=
  le_bytes 8 (f64_bits n) ++ le_bytes 4 (lenZ (slot_text s)) ++ replicate 4 0 ++ slot_text s ++ replicate (24 - length (slot_text s)) 0.
Definition retention_input : list Z := le_bytes 4 3 ++ replicate 4 0 ++ point (Some 6) 2 ++ replicate 40 0 ++ point (Some 5) 1.

Lemma used_storage_is_kept_witness : exists active candidate, decode_generation (field 8 40 retention_input) = Ok active
  /\ decode_generation (field 88 40 retention_input) = Ok candidate /\ g_slot candidate <> g_slot active.
Proof.
  destruct (used_storage_is_kept retention_input) as [H _]. destruct H as (active & candidate & H1 & H2 & H3 & _); [vm_compute; reflexivity|].
  exists active, candidate. split; [exact H1|]. split; [exact H2|exact H3].
Defined.
