(* ===== verification/OverlaySeal.v ===== *)
(** * Seals of overlay generations (crates/runtime-core/src/overlay_seal.rs)

    A sealed generation has a header that says how long its journal and index
    are, what base image it is over and what it was made from; four versions
    of the header differ in what they say. Like activation records it has a
    stored form under a digest and a form for the host. *)

From S2P Require Import Prelude OverlayActivation.

Definition MAX_HEADER_BYTES : Z := 144.
Definition SEAL_WIRE_BYTES : Z := 144.
Definition MAX_SAFE : Z := 2 ^ 53 - 1.
Definition SEAL_CHUNK_BYTES : Z := 1048576.
Definition DIGEST_BYTES : Z := 32.
Definition STORAGE_WIRE_BYTES : Z := 64.

Record Source : Type := mkSource { src_slot : option Z; src_length : Z; src_digest : option (list Z) }.
Record Seal : Type := mkSeal {
  sl_generation : Z; journal_length : Z; sl_base_digest : list Z; index_length : option Z; source : option Source }.

(** [b"KOGS"]. *)
Definition kogs : list Z := [75; 79; 71; 83].

Definition header_length (prefix : list Z) : result Z :=
  if negb (lenZ prefix =? 8) || negb (bool_decide (take 4 prefix = kogs)) then Err EIO
  else
    let version := read_u32 prefix 4 in
    if version =? 1 then Ok 88 else if version =? 2 then Ok 96 else if version =? 3 then Ok 112 else if version =? 4 then Ok 144 else Err EIO.

Definition ceil_div (n d : Z) : Z := (n + d - 1) / d.

(** The whole length of the seal file: the header and a digest per chunk. *)
Definition seal_file_length (s : Seal) (header_bytes : Z) : result Z :=
  match checked_add u64_max (ceil_div (journal_length s) SEAL_CHUNK_BYTES) (ceil_div (default 0 (index_length s)) SEAL_CHUNK_BYTES) with
  | None => Err EIO
  | Some chunks =>
      match checked_mul u64_max chunks DIGEST_BYTES with
      | None => Err EIO
      | Some bytes =>
          match checked_add u64_max bytes header_bytes with
          | None => Err EIO
          | Some length => if MAX_SAFE <? length then Err EIO else Ok length
          end
      end
  end.
Definition layout (s : Seal) (header_bytes : Z) : result (list Z) :=
  let? length := seal_file_length s header_bytes in
  Ok (le_bytes 4 SEAL_CHUNK_BYTES ++ le_bytes 4 DIGEST_BYTES ++ le_bytes 8 (f64_bits length)).

Definition seal_length_ok (n : Z) : bool := (0 <? n) && (n <=? MAX_SAFE).

Definition validate_seal (s : Seal) : result unit :=
  if negb (seal_length_ok (sl_generation s)) || negb (seal_length_ok (journal_length s))
     || match index_length s with Some n => negb (seal_length_ok n) | None => false end
  then Err EINVAL
  else
    match source s with
    | None => Ok tt
    | Some src =>
        if is_none (index_length s) || negb (seal_length_ok (src_length src))
           || match src_slot src with Some slot => MAX_SAFE <=? slot | None => false end
           || negb (Bool.eqb (is_none (src_slot src)) (sl_generation s =? 1))
           || (negb (is_none (src_digest src)) && negb (is_none (src_slot src)))
        then Err EINVAL
        else Ok tt
    end.

Definition seal_version (s : Seal) : Z :=
  match source s with
  | Some src => if is_none (src_digest src) then 3 else 4
  | None => if is_none (index_length s) then 1 else 2
  end.

(** What the version has of the header, without the digest at the end. *)
Definition seal_parts (s : Seal) : list (list Z) :=
  [kogs; le_bytes 4 (seal_version s); le_bytes 8 (sl_generation s); le_bytes 8 (journal_length s); sl_base_digest s]
  ++ match index_length s with Some n => [le_bytes 8 n] | None => [] end
  ++ match source s with
     | Some src =>
         [le_bytes 8 (src_length src); le_bytes 8 (match src_slot src with Some slot => slot + 1 | None => 0 end)]
         ++ match src_digest src with Some digest => [digest] | None => [] end
     | None => []
     end.
Definition seal_body (s : Seal) : list Z := concat (seal_parts s).

Section Digest.
Variable sha256 : list Z -> list Z.

Definition encode_seal (s : Seal) : result (list Z) :=
  let? _ := validate_seal s in Ok (seal_body s ++ sha256 (seal_body s)).

Definition decode_seal (bytes : list Z) : result Seal :=
  if lenZ bytes <? 8 then Err EIO
  else
    let? count := header_length (take 8 bytes) in
    let body := Z.to_nat (count - 32) in
    if negb (lenZ bytes =? count) || negb (bool_decide (sha256 (take body bytes) = drop body bytes)) then Err EIO
    else
      let source :=
        if 112 <=? count then
          Some (mkSource (checked_sub (read_u64 bytes 72) 1) (read_u64 bytes 64) (if count =? 144 then Some (field 80 32 bytes) else None))
        else None in
      let seal := mkSeal (read_u64 bytes 8) (read_u64 bytes 16) (field 24 32 bytes) (if 96 <=? count then Some (read_u64 bytes 56) else None) source in
      match validate_seal seal with Ok _ => Ok seal | Err _ => Err EIO end.

(** ** The wire *)

Definition parse_seal_slot (text : list Z) : result (option Z) :=
  if bool_decide (text = legacy) then Ok None
  else if (lenZ text <? 2) || negb (bool_decide (text !! 0%nat = Some letter_g)) || (2 <? lenZ text) && bool_decide (text !! 1%nat = Some digit_0)
  then Err EINVAL
  else let? slot := parse_digits (drop 1 text) 0 in Ok (Some slot).

Definition seal_from_wire (bytes : list Z) : result Seal :=
  if negb (lenZ bytes =? SEAL_WIRE_BYTES) then Err EINVAL
  else
    let flags := read_u32 bytes 32 in
    let slot_length := read_u32 bytes 36 in
    let base_length := read_u32 bytes 128 in
    let source_digest_length := read_u32 bytes 132 in
    if (7 <? flags) || (Z.land flags 2 =? 0) && (negb (Z.land flags 4 =? 0) || negb (slot_length =? 0))
       || (24 <? slot_length) || negb (base_length =? 32)
       || negb (source_digest_length =? if Z.land flags 4 =? 0 then 0 else 32)
       || negb (bool_decide (field 136 8 bytes = replicate 8 0))
    then Err EINVAL
    else
      let? generation := wire_integer bytes 0 in
      let? journal := wire_integer bytes 8 in
      let? index := wire_integer bytes 16 in
      let? length := wire_integer bytes 24 in
      if (Z.land flags 1 =? 0) && negb (index =? 0) || (Z.land flags 2 =? 0) && negb (length =? 0)
         || (Z.land flags 4 =? 0) && negb (bool_decide (field 72 32 bytes = zero32))
      then Err EINVAL
      else
        let? src :=
          if negb (Z.land flags 2 =? 0) then
            let? slot := parse_seal_slot (field 104 (Z.to_nat slot_length) bytes) in
            Ok (Some (mkSource slot length (if negb (Z.land flags 4 =? 0) then Some (field 72 32 bytes) else None)))
          else Ok None in
        let seal := mkSeal generation journal (field 40 32 bytes) (if negb (Z.land flags 1 =? 0) then Some index else None) src in
        let? _ := validate_seal seal in
        Ok seal.

(** The digits of a slot have 16 bytes. *)
Definition seal_slot_text (s : option Z) : list Z :=
  match s with None => legacy | Some n => letter_g :: write_digits 16 n [] end.
Definition seal_flags (s : Seal) : Z :=
  (if is_none (index_length s) then 0 else 1)
  + match source s with Some src => 2 + (if is_none (src_digest src) then 0 else 4) | None => 0 end.
Definition seal_wire_parts (s : Seal) : list (list Z) :=
  let text := match source s with Some src => seal_slot_text (src_slot src) | None => [] end in
  let digest := match source s with Some src => src_digest src | None => None end in
  [le_bytes 8 (f64_bits (sl_generation s)); le_bytes 8 (f64_bits (journal_length s)); le_bytes 8 (f64_bits (default 0 (index_length s)));
   le_bytes 8 (f64_bits (match source s with Some src => src_length src | None => 0 end));
   le_bytes 4 (seal_flags s); le_bytes 4 (lenZ text); sl_base_digest s; default zero32 digest;
   text; replicate (24 - length text) 0;
   le_bytes 4 32; le_bytes 4 (if is_none digest then 0 else 32); replicate 8 0].
Definition seal_to_wire (s : Seal) : list Z := concat (seal_wire_parts s).

(** ** The files of a sealed generation *)

Definition verify_storage (input : list Z) : result unit :=
  if lenZ input <=? STORAGE_WIRE_BYTES then Err EINVAL
  else
    let flags := read_u32 input 0 in
    let expected_length := read_u32 input 4 in
    let? journal := wire_integer input 8 in
    let? index := wire_integer input 16 in
    let? seal_bytes := wire_integer input 24 in
    if (7 <? flags) || (Z.land flags 1 =? 0) && negb (index =? 0)
       || (Z.land flags 2 =? 0) && (negb (expected_length =? 0) || negb (bool_decide (field 32 32 input = zero32)))
    then Err EINVAL
    else
      let header := drop 64 input in
      let? seal := decode_seal header in
      let? l := layout seal (lenZ header) in
      let? expected_seal_length := wire_integer l 8 in
      let journal_matches := if negb (Z.land flags 4 =? 0) then journal_length seal <=? journal else journal =? journal_length seal in
      if match index_length seal with Some expected => (Z.land flags 1 =? 0) || negb (expected =? index) | None => false end
         || negb journal_matches
         || negb (Z.land flags 2 =? 0) && (negb (expected_length =? 32) || negb (bool_decide (field 32 32 input = sl_base_digest seal)))
         || negb (seal_bytes =? expected_seal_length)
      then Err EIO
      else Ok tt.

Definition seal_result (operation : Z) (input : list Z) : result (list Z) :=
  if operation =? 4 then let? s := seal_from_wire input in encode_seal s
  else if operation =? 5 then let? s := decode_seal input in Ok (seal_to_wire s)
  else if operation =? 9 then let? n := header_length input in Ok (le_bytes 4 n)
  else if operation =? 17 then let? s := decode_seal input in layout s (lenZ input)
  else if operation =? 18 then let? _ := verify_storage input in Ok (replicate 4 0)
  else Err EINVAL.
Definition seal_codec (operation : Z) (input output : list Z) : list Z * result Z :=
  match seal_result operation input with
  | Err e => (output, Err e)
  | Ok bytes =>
      if lenZ output <? lenZ bytes then (output, Err EINVAL)
      else (bytes ++ drop (length bytes) output, Ok (lenZ bytes))
  end.
End Digest.
