(* ===== verification/SealThms.v ===== *)
(** * Seals: theorems

    The stored and the exchanged form of a seal lose nothing in any of the four
    versions; storage that is accepted has the lengths its seal says. *)

From S2P Require Import Prelude OverlayActivation OverlayThms OverlaySeal.

(** The seal fits its types. *)
Definition seal_ok (s : Seal) : Prop :=
  length (sl_base_digest s) = 32%nat
  /\ forall src, source s = Some src -> (forall n, src_slot src = Some n -> 0 <= n) /\ (forall d, src_digest src = Some d -> length d = 32%nat).

Definition good_length (n : Z) : Prop := 0 < n <= MAX_SAFE.

Lemma seal_length_ok_true n : seal_length_ok n = true <-> good_length n.
Proof. unfold seal_length_ok, good_length. rewrite andb_true_iff, Z.ltb_lt, Z.leb_le. done. Qed.

Lemma validate_seal_ok s : validate_seal s = Ok tt -> good_length (sl_generation s) /\ good_length (journal_length s)
  /\ (forall n, index_length s = Some n -> good_length n)
  /\ forall src, source s = Some src -> index_length s <> None /\ good_length (src_length src) /\ (forall n, src_slot src = Some n -> n < MAX_SAFE).
Proof.
  unfold validate_seal. destruct (_ || _) eqn:E; [done|]. rewrite !orb_false_iff in E. destruct E as [[E1 E2] E3].
  apply negb_false_iff, seal_length_ok_true in E1, E2. intros H. split_and!; [done|done| |].
  - intros n Hn. rewrite Hn in E3. by apply negb_false_iff, seal_length_ok_true in E3.
  - intros src Hs. rewrite Hs in H. destruct (_ || _) eqn:E in H; [done|]. rewrite !orb_false_iff in E. destruct E as [[[[F1 F2] F3] _] _].
    apply negb_false_iff, seal_length_ok_true in F2. split_and!; [by destruct (index_length s)|done|]. intros n Hn. rewrite Hn in F3. by apply Z.leb_gt in F3.
Qed.

(** Fields of a concatenation with something behind it. *)
Lemma field_at_app parts d i p off n : parts !! i = Some p -> off = length (concat (take i parts)) -> n = length p -> field off n (concat parts ++ d) = p.
Proof.
  intros Hp Hoff Hn. replace (concat parts ++ d) with (concat (parts ++ [d])) by (rewrite concat_app; cbn [concat]; by rewrite app_nil_r).
  apply (field_at _ i); [exact (lookup_app_l_Some _ _ _ _ Hp)| |done]. rewrite take_app_le; [done|]. apply lookup_lt_Some in Hp. lia.
Qed.

Lemma u64_fits n : 0 <= n <= MAX_SAFE + 1 -> le_value (le_bytes 8 n) = n.
Proof. intros H. apply le_value_small. change (256 ^ Z.of_nat 8) with (2 ^ 64). unfold MAX_SAFE in H. lia. Qed.

Section Digest.
Context (sha256 : list Z -> list Z) (sha256_length : forall l, length (sha256 l) = 32%nat).

Lemma seal_prefix s d : take 8 (seal_body s ++ d) = kogs ++ le_bytes 4 (seal_version s).
Proof.
  change (take 8 (seal_body s ++ d)) with (field 0 8 (seal_body s ++ d)). rewrite (field_split 0 4 4). simpl Nat.add.
  unfold seal_body. by rewrite (field_at_app (seal_parts s) d 0 kogs 0 4), (field_at_app (seal_parts s) d 1 (le_bytes 4 (seal_version s)) 4 4).
Qed.

(** How long the parts of each version are. *)
Definition part_lengths (v : Z) : list nat :=
  ([4; 4; 8; 8; 32] ++ (if Z.leb 2 v then [8] else []) ++ (if Z.leb 3 v then [8; 8] else []) ++ (if Z.eqb v 4 then [32] else []))%nat.

Lemma seal_part_lengths s : seal_ok s -> validate_seal s = Ok tt -> map (@length Z) (seal_parts s) = part_lengths (seal_version s).
Proof.
  intros [Hb Hsrc] (_ & _ & _ & Hx)%validate_seal_ok. unfold seal_parts, seal_version. cbn [app map]. rewrite Hb.
  destruct (source s) as [src|]; [|by destruct (index_length s)]. destruct (Hx src eq_refl) as [Hi _]. destruct (index_length s); [|done].
  destruct (Hsrc src eq_refl) as [_ Hd]. destruct (src_digest src) as [d|]; [|done]. cbn [app map]. by rewrite (Hd d eq_refl).
Qed.

Lemma seal_version_range s : seal_version s = 1 \/ seal_version s = 2 \/ seal_version s = 3 \/ seal_version s = 4.
Proof. unfold seal_version. destruct (source s) as [src|]; [destruct (src_digest src)|destruct (index_length s)]; simpl; auto. Qed.

Lemma header_length_version v : v = 1 \/ v = 2 \/ v = 3 \/ v = 4 -> header_length (kogs ++ le_bytes 4 v) = Ok (Z.of_nat (list_sum (part_lengths v)) + 32).
Proof. by intros [->|[->|[->| ->]]]. Qed.

Lemma decode_encode_seal s : seal_ok s -> validate_seal s = Ok tt -> decode_seal sha256 (seal_body s ++ sha256 (seal_body s)) = Ok s.
Proof.
  intros Hok Hv. pose proof (seal_part_lengths s Hok Hv) as Hlens. pose proof (validate_seal_ok s Hv) as (G1 & G2 & G3 & G4). destruct Hok as [Hb Hsrc].
  assert (forall i, length (concat (take i (seal_parts s))) = list_sum (take i (part_lengths (seal_version s)))) as Hoff.
  { intros i. by rewrite length_concat, <- firstn_map, Hlens. }
  assert (length (seal_body s) = list_sum (part_lengths (seal_version s))) as Hlen by (unfold seal_body; by rewrite length_concat, Hlens).
  set (d := sha256 (seal_body s)). pose proof (fun i p off n => field_at_app (seal_parts s) d i p off n) as Hf. fold (seal_body s) in Hf.
  unfold decode_seal. rewrite seal_prefix, (header_length_version _ (seal_version_range s)). assert (length d = 32%nat) as Hd by apply sha256_length. rewrite length_app, Hd, Hlen.
  rewrite (proj2 (Z.ltb_ge _ 8)) by lia. cbn beta iota zeta. set (count := Z.of_nat (list_sum (part_lengths (seal_version s))) + 32).
  replace (Z.to_nat (count - 32)) with (length (seal_body s)) by (unfold count; lia). rewrite take_app_length, drop_app_length, bool_decide_true by done.
  replace (Z.of_nat (list_sum (part_lengths (seal_version s)) + 32) =? count) with true by (symmetry; apply Z.eqb_eq; unfold count; lia). cbn [negb orb].
  unfold read_u64. unfold good_length in *. assert (forall n, 0 < n <= MAX_SAFE -> le_value (le_bytes 8 n) = n) as Hle by (intros n Hn; apply u64_fits; lia).
  rewrite (Hf 2%nat (le_bytes 8 (sl_generation s)) 8%nat), (Hf 3%nat (le_bytes 8 (journal_length s)) 16%nat), (Hf 4%nat (sl_base_digest s) 24%nat) by (rewrite ?Hoff; done).
  rewrite !Hle by done.
  cbv zeta. match goal with |- match validate_seal ?x with _ => _ end = _ => assert (x = s) as -> end; [|by rewrite Hv].
  destruct s as [g j b idx src]. cbn [sl_generation journal_length sl_base_digest index_length source] in *.
  destruct src as [[slot len dg]|].
  - destruct (G4 _ eq_refl) as (Hi & Hlen' & Hslot). cbn [src_slot src_length src_digest] in *. destruct idx as [idx|]; [|done]. destruct (Hsrc _ eq_refl) as [Hpos Hdg]. cbn [src_slot src_digest] in *.
    assert (forall x, x = match slot with Some n => n + 1 | None => 0 end -> checked_sub (le_value (le_bytes 8 x)) 1 = slot) as Hcs.
    { intros x ->. destruct slot as [n|]; [|done]. specialize (Hpos n eq_refl). specialize (Hslot n eq_refl). rewrite u64_fits by lia. unfold checked_sub. rewrite (proj2 (Z.leb_le _ _)) by lia. f_equal. lia. }
    rewrite (Hf 5%nat (le_bytes 8 idx) 56%nat), (Hf 6%nat (le_bytes 8 len) 64%nat), (Hf 7%nat (le_bytes 8 (match slot with Some n => n + 1 | None => 0 end)) 72%nat)
      by (rewrite ?Hoff; by destruct dg). rewrite (Hle idx (G3 _ eq_refl)), (Hle len Hlen'), (Hcs _ eq_refl).
    destruct dg as [dg|].
    + change count with 144. change (96 <=? 144) with true. change (112 <=? 144) with true. change (144 =? 144) with true. cbn beta iota.
      by rewrite (Hf 8%nat dg 80%nat) by (rewrite ?Hoff, ?(Hdg dg eq_refl); done).
    + by change count with 112.
  - destruct idx as [idx|]; [change count with 96|by change count with 88]. change (96 <=? 96) with true. change (112 <=? 96) with false. cbn beta iota. rewrite (Hf 5%nat (le_bytes 8 idx) 56%nat) by (rewrite ?Hoff; done). by rewrite (Hle idx (G3 _ eq_refl)).
Qed.
End Digest.

(** ** The wire *)

Lemma seal_slot_text_parses s : (forall n, s = Some n -> 0 <= n < MAX_SAFE) -> parse_seal_slot (seal_slot_text s) = Ok s /\ (length (seal_slot_text s) <= 24)%nat.
Proof.
  intros Hs. destruct s as [n|]; [|split; [done|simpl; lia]]. specialize (Hs n eq_refl). assert (MAX_SAFE < 10 ^ Z.of_nat 16) as Hmax by (by vm_compute).
  destruct (write_digits_spec 15 n [] ltac:(lia)) as (ds & Hw & Hl & Hd & Hv & Hh & Hz). rewrite app_nil_r in Hw. unfold seal_slot_text. rewrite Hw. split; [|simpl; lia].
  unfold parse_seal_slot. rewrite bool_decide_false by (intros [= E _]; done). cbn [length]. rewrite (proj2 (Z.ltb_ge _ 2)) by lia. cbn [orb].
  rewrite bool_decide_true by done. cbn [negb orb]. change (drop 1 (letter_g :: ds)) with ds.
  assert ((2 <? Z.of_nat (S (length ds))) && bool_decide ((letter_g :: ds) !! 1%nat = Some digit_0) = false) as ->.
  { destruct (decide (n = 0)) as [E|E]; [rewrite (Hz E); done|]. apply andb_false_iff. right. apply bool_decide_false. intros H. apply Hh; [lia|]. by destruct ds. }
  rewrite parse_digits_decimal; [|done|lia|]; rewrite Hv, Z.mul_0_l, Z.add_0_l; [done|unfold MAX_SAFE, u64_max in *; lia].
Qed.

(** Evaluate the tests of the flags. *)
Ltac set_flags v :=
  match goal with |- context [le_value (le_bytes 4 (seal_flags ?s))] => change (le_value (le_bytes 4 (seal_flags s))) with v end;
  change (le_value (le_bytes 4 32)) with 32; change (le_value (le_bytes 4 0)) with 0;
  let a := eval vm_compute in (Z.land v 1 =? 0) in change (Z.land v 1 =? 0) with a;
  let a := eval vm_compute in (Z.land v 2 =? 0) in change (Z.land v 2 =? 0) with a;
  let a := eval vm_compute in (Z.land v 4 =? 0) in change (Z.land v 4 =? 0) with a;
  change (7 <? v) with false; cbn [andb orb negb]; rewrite ?bool_decide_true by done;
  cbn -[Z.leb Z.of_nat length parse_seal_slot seal_slot_text validate_seal bool_decide].

Lemma seal_from_to_wire s : seal_ok s -> validate_seal s = Ok tt -> seal_from_wire (seal_to_wire s) = Ok s.
Proof.
  intros [Hb Hsrc] Hv. pose proof (validate_seal_ok s Hv) as (G1 & G2 & G3 & G4). unfold good_length in *.
  set (text := match source s with Some src => seal_slot_text (src_slot src) | None => [] end).
  set (digest := match source s with Some src => src_digest src | None => None end).
  assert ((length text <= 24)%nat /\ (forall src, source s = Some src -> parse_seal_slot text = Ok (src_slot src))) as [Htext Hparse].
  { unfold text. destruct (source s) as [src|]; [|split; [simpl; lia|done]]. destruct (seal_slot_text_parses (src_slot src)) as [P1 P2].
    - intros n Hn. split; [by apply (Hsrc src eq_refl)|by apply (G4 src eq_refl)].
    - split; [done|]. by intros ? [= <-]. }
  assert (length (default zero32 digest) = 32%nat) as Hdl.
  { unfold digest. destruct (source s) as [src|]; [|done]. destruct (src_digest src) as [d|] eqn:Ed; [|done]. by apply (Hsrc src eq_refl). }
  set (lens := [8; 8; 8; 8; 4; 4; 32; 32; length text; 24 - length text; 4; 4; 8]%nat).
  assert (map (@length Z) (seal_wire_parts s) = lens) as Hlens.
  { unfold seal_wire_parts. fold text digest. cbn [map]. by rewrite !length_le_bytes, !length_replicate, Hb, Hdl. }
  assert (forall i, length (concat (take i (seal_wire_parts s))) = list_sum (take i lens)) as Hoff by (intros i; by rewrite length_concat, <- firstn_map, Hlens).
  assert (length (seal_to_wire s) = 144%nat) as Hlen by (unfold seal_to_wire; rewrite length_concat, Hlens; unfold lens; simpl; lia).
  pose proof (fun i p off n => field_at (seal_wire_parts s) i p off n) as Hf. fold (seal_to_wire s) in Hf.
  unfold seal_from_wire, read_u32. rewrite Hlen. change (Z.of_nat 144 =? SEAL_WIRE_BYTES) with true. cbn [negb].
  rewrite (Hf 4%nat (le_bytes 4 (seal_flags s)) 32%nat), (Hf 5%nat (le_bytes 4 (lenZ text)) 36%nat), (Hf 6%nat (sl_base_digest s) 40%nat) by (rewrite ?Hoff; done).
  rewrite (Hf 7%nat (default zero32 digest) 72%nat), (Hf 8%nat text 104%nat) by (rewrite ?Hoff, ?Nat2Z.id; done || (rewrite le_value_small, Nat2Z.id by (change (256 ^ Z.of_nat 4) with (2 ^ 32); lia); done)).
  assert (list_sum (take 10 lens) = 128%nat /\ list_sum (take 11 lens) = 132%nat /\ list_sum (take 12 lens) = 136%nat) as (L1 & L2 & L3) by (unfold lens; simpl; lia).
  rewrite (Hf 10%nat (le_bytes 4 32) 128%nat), (Hf 11%nat (le_bytes 4 (if is_none digest then 0 else 32)) 132%nat), (Hf 12%nat (replicate 8 0) 136%nat) by (rewrite ?Hoff; done).
  assert (forall i x off, seal_wire_parts s !! i = Some (le_bytes 8 (f64_bits x)) -> off = list_sum (take i lens) -> 0 <= x <= MAX_SAFE_INTEGER -> wire_integer (seal_to_wire s) off = Ok x) as Hint.
  { intros i x off Hp Ho Hx. apply wire_integer_f64; [done|]. apply (Hf i); [done|by rewrite Hoff|done]. }
  change MAX_SAFE_INTEGER with MAX_SAFE in Hint.
  rewrite (Hint 0%nat (sl_generation s) 0%nat) by (done || lia). rewrite (Hint 1%nat (journal_length s) 8%nat) by (done || lia).
  rewrite (Hint 2%nat (default 0 (index_length s)) 16%nat); [|done|done|destruct (index_length s) as [n|]; simpl; [specialize (G3 n eq_refl); lia|unfold MAX_SAFE; lia]].
  rewrite (Hint 3%nat (match source s with Some src => src_length src | None => 0 end) 24%nat);
    [|done|done|destruct (source s) as [src|]; [destruct (G4 src eq_refl) as (_ & ? & _); lia|unfold MAX_SAFE; lia]].
  rewrite (le_value_small 4 (lenZ text)) by (change (256 ^ Z.of_nat 4) with (2 ^ 32); lia). rewrite (proj2 (Z.ltb_ge 24 (lenZ text))) by lia.
  unfold text, digest in *. destruct s as [g j b idx src]. cbn [sl_generation journal_length sl_base_digest index_length source] in *.
  destruct src as [[slot len dg]|]; cbn [src_slot src_length src_digest] in *.
  - destruct (G4 _ eq_refl) as (Hi & _ & _). destruct idx as [idx|]; [|done]. specialize (Hparse _ eq_refl). cbn [src_slot] in Hparse.
    destruct dg as [dg|]; cbn [is_none default].
    + set_flags 7. rewrite Hparse. cbn beta iota zeta. by rewrite Hv.
    + set_flags 3. rewrite Hparse. cbn beta iota zeta. by rewrite Hv.
  - destruct idx as [idx|]; cbn [is_none default].
    + set_flags 1. cbn beta iota zeta. by rewrite Hv.
    + set_flags 0. cbn beta iota zeta. by rewrite Hv.
Qed.

(** ** Theorems *)

Section Codec.
Context (sha256 : list Z -> list Z) (sha256_length : forall l, length (sha256 l) = 32%nat).

(** Seals survive storage and exchange in all four versions: a valid seal is
    stored as a header of at most 144 bytes that decodes to it and sent as 144
    bytes that read back as it, and the two operations that convert between
    the forms are inverse. *)
Theorem seals_roundtrip s : seal_ok s -> validate_seal s = Ok tt ->
  exists stored, encode_seal sha256 s = Ok stored /\ lenZ stored <= MAX_HEADER_BYTES /\ decode_seal sha256 stored = Ok s /\ seal_from_wire (seal_to_wire s) = Ok s
    /\ forall out, MAX_HEADER_BYTES <= lenZ out ->
         seal_codec sha256 4 (seal_to_wire s) out = (stored ++ drop (length stored) out, Ok (lenZ stored))
         /\ seal_codec sha256 5 stored out = (seal_to_wire s ++ drop (length (seal_to_wire s)) out, Ok (lenZ (seal_to_wire s))).
Proof.
  intros Hs Hv. exists (seal_body s ++ sha256 (seal_body s)). pose proof (decode_encode_seal sha256 sha256_length s Hs Hv) as Hd. pose proof (seal_from_to_wire s Hs Hv) as Hw.
  assert (encode_seal sha256 s = Ok (seal_body s ++ sha256 (seal_body s))) as He by (unfold encode_seal; by rewrite Hv).
  assert (lenZ (seal_body s ++ sha256 (seal_body s)) <= MAX_HEADER_BYTES) as Hl.
  { rewrite length_app, sha256_length. unfold seal_body. rewrite length_concat, (seal_part_lengths s Hs Hv).
    destruct (seal_version_range s) as [->|[->|[->| ->]]]; vm_compute; discriminate. }
  assert (lenZ (seal_to_wire s) <= MAX_HEADER_BYTES) as Hwl.
  { revert Hw. unfold seal_from_wire. destruct (Z.eqb_spec (lenZ (seal_to_wire s)) SEAL_WIRE_BYTES) as [->|]; [done|done]. }
  split_and!; try done. intros out Hout. unfold seal_codec, seal_result. change (4 =? 4) with true. change (5 =? 4) with false. change (5 =? 5) with true. cbn beta iota.
  rewrite Hw, Hd. cbn beta iota. rewrite He. rewrite !(proj2 (Z.ltb_ge (lenZ out) _)) by lia. done.
Qed.

Lemma decoded_seal_valid bytes s : decode_seal sha256 bytes = Ok s -> validate_seal s = Ok tt.
Proof.
  unfold decode_seal. destruct (_ <? _); [done|]. destruct (header_length _) as [c|]; [|done]. cbn beta iota zeta. destruct (_ || _); [done|].
  match goal with |- match validate_seal ?y with _ => _ end = _ -> _ => destruct (validate_seal y) as [[]|] eqn:Ev end; [|done]. by intros [= <-].
Qed.

(** Storage that is accepted is what its seal says: the journal has the sealed
    length, or at least it where a tail is allowed, the index has its sealed
    length, and the seal file has room for exactly one digest per chunk of
    both. *)
Theorem accepted_storage_matches_seal input : verify_storage sha256 input = Ok tt ->
  exists seal journal, decode_seal sha256 (drop 64 input) = Ok seal /\ wire_integer input 8 = Ok journal
    /\ (if Z.land (read_u32 input 0) 4 =? 0 then journal = journal_length seal else journal_length seal <= journal)
    /\ (forall n, index_length seal = Some n -> wire_integer input 16 = Ok n)
    /\ wire_integer input 24 = Ok ((ceil_div (journal_length seal) SEAL_CHUNK_BYTES + ceil_div (default 0 (index_length seal)) SEAL_CHUNK_BYTES) * DIGEST_BYTES + lenZ (drop 64 input)).
Proof.
  unfold verify_storage. destruct (_ <=? _); [done|]. cbv zeta. destruct (wire_integer input 8) as [journal|] eqn:E8; [|done]. cbn beta iota.
  destruct (wire_integer input 16) as [index|] eqn:E16; [|done]. cbn beta iota. destruct (wire_integer input 24) as [bytes|] eqn:E24; [|done]. cbn beta iota.
  destruct (_ || _); [done|]. destruct (decode_seal sha256 (drop 64 input)) as [seal|] eqn:Ed; [|done]. cbn beta iota.
  destruct (layout seal _) as [l|] eqn:El; [|done]. cbn beta iota. destruct (wire_integer l 8) as [expected|] eqn:Ex; [|done]. cbn beta iota.
  destruct (_ || _) eqn:E; [done|]. intros _. rewrite !orb_false_iff in E. destruct E as [[[A1 A2] A3] A4]. apply negb_false_iff in A2, A4. apply Z.eqb_eq in A4. subst bytes.
  exists seal, journal. split_and!; [done|done| | |].
  - destruct (Z.land (read_u32 input 0) 4 =? 0); cbn [negb] in A2; [by apply Z.eqb_eq in A2|by apply Z.leb_le in A2].
  - intros n Hn. rewrite Hn in A1. apply orb_false_iff in A1 as [_ A1]. apply negb_false_iff, Z.eqb_eq in A1. by subst.
  - unfold layout, seal_file_length in El. revert El. split_checked H1; [|done]. split_checked H2; [|done]. split_checked H3; [|done].
    destruct (Z.ltb_spec MAX_SAFE ((ceil_div (journal_length seal) SEAL_CHUNK_BYTES + ceil_div (default 0 (index_length seal)) SEAL_CHUNK_BYTES) * DIGEST_BYTES + lenZ (drop 64 input))) as [Hb|Hb]; [done|].
    cbn beta iota. intros [= <-]. set (x := _ * DIGEST_BYTES + _) in *. rewrite (wire_integer_f64 _ 8 x) in Ex; [by injection Ex as <-| |].
    + split; [|exact Hb]. apply decoded_seal_valid, validate_seal_ok in Ed as (_ & Hj & Hi & _). unfold good_length in *.
      assert (0 <= default 0 (index_length seal)) by (destruct (index_length seal) as [n|]; simpl; [specialize (Hi n eq_refl)|]; lia).
      assert (0 <= ceil_div (journal_length seal) SEAL_CHUNK_BYTES) by (apply Z.div_pos; unfold SEAL_CHUNK_BYTES; lia).
      assert (0 <= ceil_div (default 0 (index_length seal)) SEAL_CHUNK_BYTES) by (apply Z.div_pos; unfold SEAL_CHUNK_BYTES; lia). unfold x, DIGEST_BYTES. lia.
    + transitivity (take 8 (le_bytes 8 (f64_bits x))); [done|]. apply take_ge. by rewrite length_le_bytes.
Qed.
End Codec.

(** ** Witness *)

Definition witness_seal : Seal := mkSeal 1 5000000 (replicate 32 7) (Some 300) (Some (mkSource None 4096 (Some (replicate 32 3)))).

Lemma seals_roundtrip_witness : exists stored, decode_seal (fun _ => replicate 32 5) stored = Ok witness_seal /\ seal_from_wire (seal_to_wire witness_seal) = Ok witness_seal.
Proof.
  destruct (seals_roundtrip (fun _ => replicate 32 5) (fun _ => eq_refl) witness_seal) as (stored & _ & _ & H1 & H2 & _).
  - split; [reflexivity|]. intros src [= <-]. split; [intros n [=]|intros d [= <-]; reflexivity].
  - vm_compute. reflexivity.
  - exists stored. split; [exact H1|exact H2].
Defined.
