(* ===== verification/StorageDigest.v ===== *)
(** * Resumable digests (crates/runtime-core/src/storage_digest.rs)

    The host digests files of any length in pieces: the state of a SHA-256
    computation leaves the kernel after every piece as 112 bytes and comes back
    with the next. The compression function, [compress256] of the crate sha2,
    is a parameter. *)

From S2P Require Import Prelude OverlayActivation.

Definition STATE_BYTES : Z := 112.
Definition CHUNK_BYTES : Z := 61440.
Definition MAX_DIGEST_INPUT : Z := STATE_BYTES + CHUNK_BYTES.
Definition MAX_LENGTH : Z := 2 ^ 53 - 1.
Definition INITIAL : list Z :=
  [1779033703; 3144134277; 1013904242; 2773480762; 1359893119; 2600822924; 528734635; 1541459225].

Record State : Type := mkState { words : list Z; st_length : Z; used : nat; pending : list Z }.

Definition new_state : State := mkState INITIAL 0 0 (replicate 64 0).

Definition be_bytes (n : nat) (x : Z) : list Z := rev (le_bytes n x).

Definition decode_state (bytes : list Z) : result State :=
  if negb (lenZ bytes =? STATE_BYTES) then Err EINVAL
  else
    let length := read_u64 bytes 32 in
    let used := read_u32 bytes 40 in
    if (MAX_LENGTH <? length) || (64 <=? used) || negb (used =? length mod 64)
       || negb (forallb (Z.eqb 0) (field 44 4 bytes)) || existsb (fun b => negb (b =? 0)) (drop (48 + Z.to_nat used) bytes)
    then Err EINVAL
    else Ok (mkState (map (fun i => read_u32 bytes (i * 4)) (seq 0 8)) length (Z.to_nat used) (drop 48 bytes)).

Definition encode_state (s : State) : list Z :=
  concat (map (le_bytes 4) (words s)) ++ le_bytes 8 (st_length s) ++ le_bytes 4 (Z.of_nat (used s)) ++ replicate 4 0
  ++ take (used s) (pending s) ++ replicate (64 - used s) 0.

Section Compress.
Variable compress256 : list Z -> list Z -> list Z.

(** [while bytes.len() >= 64]. *)
Fixpoint compress_blocks (fuel : nat) (w bytes : list Z) : list Z * list Z :=
  match fuel with
  | O => (w, bytes)
  | S fuel => if (length bytes <? 64)%nat then (w, bytes) else compress_blocks fuel (compress256 w (take 64 bytes)) (drop 64 bytes)
  end.

(** A slice written at an offset within. *)
Definition overwrite (off : nat) (bytes l : list Z) : list Z := take off l ++ bytes ++ drop (off + length bytes) l.

(** The pending block is filled first. *)
Definition fill_pending (s : State) (bytes : list Z) : State * list Z :=
  if (used s =? 0)%nat then (s, bytes)
  else
    let count := Nat.min (length bytes) (64 - used s) in
    let p := overwrite (used s) (take count bytes) (pending s) in
    let n := (used s + count)%nat in
    (if (n =? 64)%nat then mkState (compress256 (words s) p) (st_length s) 0 (replicate 64 0) else mkState (words s) (st_length s) n p,
     drop count bytes).

Definition update (bytes : list Z) (s : State) : result State :=
  let total := st_length s + lenZ bytes in
  if (u64_max <? total) || (MAX_LENGTH <? total) then Err EINVAL
  else
    let '(s1, rest) := fill_pending (mkState (words s) total (used s) (pending s)) bytes in
    let '(w, rest) := compress_blocks (length rest) (words s1) rest in
    Ok (if bool_decide (rest = []) then mkState w total (used s1) (pending s1)
        else mkState w total (length rest) (overwrite 0 rest (pending s1))).

Definition finish (s : State) : list Z :=
  let block := overwrite (used s) [128] (pending s) in
  let '(w, block) := if (56 <=? used s)%nat then (compress256 (words s) block, replicate 64 0) else (words s, block) in
  let w := compress256 w (overwrite 56 (be_bytes 8 (st_length s * 8)) block) in
  concat (map (be_bytes 4) w).

Definition digest_result (operation : Z) (input : list Z) : result (list Z) :=
  if (operation =? 6) && bool_decide (input = [0]) then Ok (encode_state new_state)
  else if (operation =? 7) && (STATE_BYTES <=? lenZ input) && (lenZ input <=? MAX_DIGEST_INPUT) then
    let? s := decode_state (take 112 input) in
    let? s := update (drop 112 input) s in
    Ok (encode_state s)
  else if operation =? 8 then let? s := decode_state input in Ok (finish s)
  else Err EINVAL.

Definition digest_codec (operation : Z) (input output : list Z) : list Z * result Z :=
  match digest_result operation input with
  | Err e => (output, Err e)
  | Ok bytes =>
      if lenZ output <? lenZ bytes then (output, Err EINVAL)
      else (bytes ++ drop (length bytes) output, Ok (lenZ bytes))
  end.
End Compress.
