(* ===== verification/DigestThms.v ===== *)
(** * Resumable digests: theorems

    However a message is cut into pieces, and although the state leaves the
    kernel between them, the digest is that of the whole message. *)

From S2P Require Import Prelude OverlayActivation OverlayThms StorageDigest.

Section Compress.
Context (compress256 : list Z -> list Z -> list Z).

(** ** The digest of a whole message *)

(** The compression of the complete blocks of a message. *)
Fixpoint hash_blocks (fuel : nat) (w l : list Z) : list Z :=
  match fuel with
  | O => w
  | S fuel => if (length l <? 64)%nat then w else hash_blocks fuel (compress256 w (take 64 l)) (drop 64 l)
  end.
Definition hash (w l : list Z) : list Z := hash_blocks (length l) w l.

(** The padding of FIPS 180-4: a bit 1, zeros up to the last 8 bytes of a
    block, the length in bits. *)
Definition pad (n : nat) : list Z := 128 :: replicate (Z.to_nat ((55 - Z.of_nat n) mod 64)) 0 ++ be_bytes 8 (Z.of_nat n * 8).
Definition sha256_of (m : list Z) : list Z := concat (map (be_bytes 4) (hash INITIAL (m ++ pad (length m)))).

Lemma hash_blocks_fuel f1 f2 w l : (length l <= f1)%nat -> (length l <= f2)%nat -> hash_blocks f1 w l = hash_blocks f2 w l.
Proof.
  revert f2 w l. induction f1 as [|f1 IH]; intros [|f2] w l H1 H2; simpl; try done.
  - by rewrite (proj2 (Nat.ltb_lt _ _)) by lia.
  - by rewrite (proj2 (Nat.ltb_lt _ _)) by lia.
  - destruct (Nat.ltb_spec (length l) 64) as [?|Hl]; [done|]. apply IH; rewrite length_drop; lia.
Qed.

Lemma hash_short w l : (length l < 64)%nat -> hash w l = w.
Proof. intros H. unfold hash. destruct (length l) eqn:E; [done|]. simpl. by rewrite E, (proj2 (Nat.ltb_lt _ _)) by lia. Qed.

Lemma hash_block w b l : length b = 64%nat -> hash w (b ++ l) = hash (compress256 w b) l.
Proof.
  intros Hb. unfold hash. rewrite (hash_blocks_fuel _ (S (length (b ++ l)))) by lia. cbn [hash_blocks]. rewrite (proj2 (Nat.ltb_ge _ _)) by (rewrite length_app; lia).
  rewrite take_app_length', drop_app_length' by done. apply hash_blocks_fuel; rewrite ?length_app; lia.
Qed.

Lemma hash_one w b : length b = 64%nat -> hash w b = compress256 w b.
Proof. intros Hb. pose proof (hash_block w b [] Hb) as H. by rewrite app_nil_r in H. Qed.

(** Messages of complete blocks compose. *)
Definition whole (l : list Z) : Prop := exists k, length l = (64 * k)%nat.

Lemma hash_app w a b : whole a -> hash w (a ++ b) = hash (hash w a) b.
Proof.
  intros [k Hk]. revert w a Hk. induction k as [|k IH]; intros w a Hk.
  - assert (a = []) as -> by (destruct a; [done|simpl in Hk; lia]). done.
  - rewrite <- (take_drop 64 a). rewrite <- app_assoc.
    assert (length (take 64 a) = 64%nat) as H64 by (rewrite length_take; lia). rewrite (hash_block w (take 64 a) (drop 64 a ++ b) H64), (hash_block w (take 64 a) (drop 64 a) H64).
    apply IH. rewrite length_drop. lia.
Qed.

Lemma compress_blocks_spec f w l : (length l <= f)%nat -> exists a t, compress_blocks compress256 f w l = (hash w a, t) /\ l = a ++ t /\ whole a /\ (length t < 64)%nat.
Proof.
  revert w l. induction f as [|f IH]; intros w l Hf.
  - exists [], l. split_and!; [done|done|by exists 0%nat|simpl; lia].
  - simpl. destruct (Nat.ltb_spec (length l) 64) as [Hl|Hl]; [exists [], l; split_and!; [done|done|by exists 0%nat|done]|].
    destruct (IH (compress256 w (take 64 l)) (drop 64 l)) as (a & t & -> & Ht & [k Hk] & Hs); [rewrite length_drop; lia|].
    exists (take 64 l ++ a), t. split_and!; [by rewrite hash_block by (rewrite length_take; lia)|by rewrite <- app_assoc, <- Ht, take_drop| |done].
    exists (S k). rewrite length_app, length_take, Hk. lia.
Qed.

(** ** A state stands for a message *)

Record stands (s : State) (m : list Z) : Prop := {
  sd_length : st_length s = lenZ m;
  sd_split : exists a t, m = a ++ t /\ whole a /\ used s = length t /\ (length t < 64)%nat /\ words s = hash INITIAL a /\ pending s = t ++ replicate (64 - length t) 0 }.

Lemma new_stands : stands new_state [].
Proof. split; [done|]. exists [], []. split_and!; try done; [by exists 0%nat|simpl; lia]. Qed.

Lemma overwrite_pending (t x : list Z) : (length t + length x <= 64)%nat ->
  overwrite (length t) x (t ++ replicate (64 - length t) 0) = (t ++ x) ++ replicate (64 - length (t ++ x)) 0.
Proof.
  intros H. unfold overwrite. rewrite take_app_length, <- drop_drop, drop_app_length, drop_replicate, <- app_assoc. do 3 f_equal. rewrite length_app. lia.
Qed.

Lemma whole_app a b : whole a -> whole b -> whole (a ++ b).
Proof. intros [k Hk] [j Hj]. exists (k + j)%nat. rewrite length_app. lia. Qed.

(** Whole blocks and a rest after a state with no rest. *)
Lemma blocks_stand a l total : whole a -> total = lenZ (a ++ l) ->
  stands (let '(w, rest) := compress_blocks compress256 (length l) (hash INITIAL a) l in
          if bool_decide (rest = []) then mkState w total 0 (replicate 64 0) else mkState w total (length rest) (overwrite 0 rest (replicate 64 0))) (a ++ l).
Proof.
  intros Ha Ht. destruct (compress_blocks_spec (length l) (hash INITIAL a) l) as (b & t & -> & -> & Hb & Hs); [done|]. split.
  - by case_bool_decide.
  - exists (a ++ b), t. rewrite app_assoc. rewrite <- hash_app by done. case_bool_decide as E; [subst t|]; split_and!; try done; try (by apply whole_app).
    apply (overwrite_pending []). simpl. lia.
Qed.

Lemma update_stands b s m : stands s m -> match update compress256 b s with
  | Ok s' => stands s' (m ++ b) /\ lenZ (m ++ b) <= MAX_LENGTH
  | Err e => e = EINVAL /\ MAX_LENGTH < lenZ (m ++ b)
  end.
Proof.
  intros [Hl (a & t & -> & Ha & Hu & Hs & Hw & Hp)]. unfold update. rewrite Hl. assert (MAX_LENGTH < u64_max) by (by vm_compute).
  assert (lenZ (a ++ t) + lenZ b = lenZ ((a ++ t) ++ b)) as Htot by (rewrite (length_app (a ++ t)); lia).
  destruct (_ || _) eqn:E; [apply orb_true_iff in E as [E%Z.ltb_lt|E%Z.ltb_lt]; split; (done || lia)|].
  apply orb_false_iff in E as [_ E%Z.ltb_ge]. rewrite Htot in E |- *. clear Htot. unfold fill_pending. cbn [used words st_length pending]. rewrite Hu.
  destruct (Nat.eqb_spec (length t) 0) as [Ht0|Ht0].
  { assert (t = []) as -> by (by destruct t). rewrite app_nil_r in *. cbn [words pending used]. rewrite Hw, Hp. pose proof (blocks_stand a b _ Ha eq_refl) as H'.
    destruct (compress_blocks _ _ _ _) as [w rest]. split; [|lia]. exact H'. }
  set (count := Nat.min (length b) (64 - length t)). rewrite Hp, overwrite_pending by (rewrite length_take; lia).
  assert (length (take count b) = count) as Hc by (rewrite length_take; lia). cbn [words pending used st_length]. rewrite <- app_assoc in E. rewrite <- !app_assoc.
  destruct (Nat.eqb_spec (length t + count) 64) as [Hfull|Hfull].
  - cbn [words pending used]. rewrite (length_app t), Hc, Hfull. simpl replicate. rewrite app_nil_r, Hw.
    assert (compress256 (hash INITIAL a) (t ++ take count b) = hash INITIAL (a ++ t ++ take count b)) as ->.
    { rewrite hash_app by done. rewrite (hash_one _ (t ++ take count b)) by (rewrite length_app; lia). done. }
    pose proof (blocks_stand (a ++ t ++ take count b) (drop count b) (lenZ (a ++ t ++ b))) as H'. rewrite <- !app_assoc, take_drop in H'.
    specialize (H' ltac:(apply whole_app; [done|exists 1%nat; rewrite length_app; lia]) eq_refl).
    destruct (compress_blocks _ _ _ _) as [w rest]. split; [|lia]. exact H'.
  - assert (count = length b) as Hcb by lia. rewrite Hcb, drop_all, firstn_all. simpl length. cbn [compress_blocks words pending used]. rewrite bool_decide_true by done.
    split; [|lia]. split; [done|]. exists a, (t ++ b). cbn [words pending used]. rewrite !(length_app t b). split_and!; try done; [unfold count in *; lia|by rewrite app_assoc].
Qed.

(** ** The end of a message *)

Lemma length_be_bytes n x : length (be_bytes n x) = n.
Proof. unfold be_bytes. by rewrite length_rev, length_le_bytes. Qed.

(** The last eight bytes of a block replaced. *)
Lemma overwrite_end l x : length l = 56%nat -> length x = 8%nat -> overwrite 56 x (l ++ replicate 8 0) = l ++ x.
Proof.
  intros Hl Hx. unfold overwrite. rewrite take_app_length' by done. rewrite (drop_ge (l ++ replicate 8 0)) by (rewrite length_app, length_replicate; lia). by rewrite app_nil_r.
Qed.

Lemma finish_spec s m : stands s m -> finish compress256 s = sha256_of m.
Proof.
  intros [Hl (a & t & Hm & [k Hk] & Hu & Hs & Hw & Hp)]. unfold finish, sha256_of. rewrite Hu, Hp, overwrite_pending by (simpl; lia). rewrite Hl, Hw.
  assert (length m = (64 * k + length t)%nat) as Hlen by (rewrite Hm, length_app; lia). unfold pad. set (n := length m) in *. set (e := be_bytes 8 (Z.of_nat n * 8)).
  assert (length e = 8%nat) as He by apply length_be_bytes. rewrite (length_app t). cbn [length]. rewrite Hm, <- (app_assoc a t). rewrite hash_app by (by exists k).
  destruct (Nat.leb_spec 56 (length t)) as [H56|H56].
  - assert (Z.to_nat ((55 - Z.of_nat n) mod 64) = (63 - length t) + 56)%nat as ->.
    { rewrite Hlen. replace (55 - Z.of_nat (64 * k + length t)) with ((119 - Z.of_nat (length t)) + (- Z.of_nat k - 1) * 64) by lia. rewrite Z.mod_add, Z.mod_small by lia. lia. }
    replace (64 - (length t + 1))%nat with (63 - length t)%nat by lia. rewrite replicate_add.
    replace (t ++ 128 :: (replicate (63 - length t) 0 ++ replicate 56 0) ++ e) with (((t ++ [128]) ++ replicate (63 - length t) 0) ++ replicate 56 0 ++ e)
      by (by rewrite <- !app_assoc).
    rewrite hash_block by (rewrite !length_app, length_replicate; simpl; lia). rewrite (hash_one _ (replicate 56 0 ++ e)) by (rewrite length_app, length_replicate; lia).
    by rewrite (overwrite_end (replicate 56 0)).
  - assert (Z.to_nat ((55 - Z.of_nat n) mod 64) = 55 - length t)%nat as ->.
    { rewrite Hlen. replace (55 - Z.of_nat (64 * k + length t)) with ((55 - Z.of_nat (length t)) + (- Z.of_nat k) * 64) by lia. rewrite Z.mod_add, Z.mod_small by lia. lia. }
    replace (64 - (length t + 1))%nat with ((55 - length t) + 8)%nat by lia. rewrite replicate_add, app_assoc.
    rewrite overwrite_end by (done || (rewrite !length_app, length_replicate; simpl; lia)).
    replace (t ++ 128 :: replicate (55 - length t) 0 ++ e) with (((t ++ [128]) ++ replicate (55 - length t) 0) ++ e) by (by rewrite <- !app_assoc).
    by rewrite (hash_one _ (_ ++ e)) by (rewrite !length_app, length_replicate; simpl; lia).
Qed.

(** ** The state outside of the kernel *)

(** Eight 32-bit words. *)
Definition words_ok (w : list Z) : Prop := length w = 8%nat /\ Forall (fun x => 0 <= x < 2 ^ 32) w.
Context (compress_words : forall w b, words_ok w -> words_ok (compress256 w b)).

Lemma hash_words w l : words_ok w -> words_ok (hash w l).
Proof.
  unfold hash. generalize (length l) as f. intros f. revert w l. induction f as [|f IH]; intros w l Hw; simpl; [done|]. destruct (_ <? _)%nat; [done|]. by apply IH, compress_words.
Qed.

Definition state_parts (s : State) : list (list Z) :=
  map (le_bytes 4) (words s) ++ [le_bytes 8 (st_length s); le_bytes 4 (Z.of_nat (used s)); replicate 4 0; pending s].

Lemma encode_state_parts s m : stands s m -> encode_state s = concat (state_parts s).
Proof.
  intros [_ (a & t & _ & _ & Hu & Hs & _ & Hp)]. unfold encode_state, state_parts. rewrite concat_app. cbn [concat]. rewrite app_nil_r. do 4 f_equal.
  by rewrite Hp, Hu, take_app_length.
Qed.

Lemma decode_encode_state s m : stands s m -> lenZ m <= MAX_LENGTH -> decode_state (encode_state s) = Ok s /\ length (encode_state s) = 112%nat.
Proof.
  intros Hst Hmax. rewrite (encode_state_parts s m Hst). pose proof Hst as [Hl (a & t & Hm & [k Hk] & Hu & Hs & Hw & Hp)].
  assert (words_ok (words s)) as [Hwl Hwr] by (rewrite Hw; apply hash_words; split; [done|]; repeat constructor; done).
  assert (length (pending s) = 64%nat) as Hpl by (rewrite Hp, length_app, length_replicate; lia).
  destruct s as [w n u p]. cbn [words st_length used pending] in *. destruct w as [|w0 [|w1 [|w2 [|w3 [|w4 [|w5 [|w6 [|w7 [|]]]]]]]]]; try done.
  set (s := mkState _ _ _ _). assert (map (@length Z) (state_parts s) = [4; 4; 4; 4; 4; 4; 4; 4; 8; 4; 4; 64]%nat) as Hlens.
  { unfold state_parts, s. cbn [words st_length used pending map app]. by rewrite !length_le_bytes, length_replicate, Hpl. }
  assert (forall i, length (concat (take i (state_parts s))) = list_sum (take i [4; 4; 4; 4; 4; 4; 4; 4; 8; 4; 4; 64]%nat)) as Hoff.
  { intros i. rewrite length_concat, <- firstn_map, Hlens. done. }
  assert (length (concat (state_parts s)) = 112%nat) as Hlen by (rewrite <- (firstn_all (state_parts s)), Hoff; done). split; [|done].
  pose proof (fun i p off n => field_at (state_parts s) i p off n) as Hf. unfold decode_state, read_u64, read_u32. rewrite Hlen. cbn [seq map].
  rewrite (Hf 8%nat (le_bytes 8 n)), (Hf 9%nat (le_bytes 4 (Z.of_nat u))), (Hf 10%nat (replicate 4 0)) by (rewrite ?Hoff; done).
  rewrite (Hf 0%nat (le_bytes 4 w0)), (Hf 1%nat (le_bytes 4 w1)), (Hf 2%nat (le_bytes 4 w2)), (Hf 3%nat (le_bytes 4 w3)) by (rewrite ?Hoff; done).
  rewrite (Hf 4%nat (le_bytes 4 w4)), (Hf 5%nat (le_bytes 4 w5)), (Hf 6%nat (le_bytes 4 w6)), (Hf 7%nat (le_bytes 4 w7)) by (rewrite ?Hoff; done).
  rewrite !Forall_cons in Hwr. destruct Hwr as (W0 & W1 & W2 & W3 & W4 & W5 & W6 & W7 & _).
  rewrite !le_value_small by (change (256 ^ Z.of_nat 4) with (2 ^ 32); change (256 ^ Z.of_nat 8) with (2 ^ 64); unfold MAX_LENGTH in Hmax; lia).
  assert (drop 48 (concat (state_parts s)) = p) as Hd.
  { replace (concat (state_parts s)) with (concat (take 11 (state_parts s)) ++ p); [apply drop_app_length'; by rewrite Hoff|].
    rewrite <- (take_drop 11 (state_parts s)) at 2. rewrite concat_app. f_equal. symmetry. apply app_nil_r. }
  rewrite <- drop_drop, Hd, Nat2Z.id. rewrite Hl, (proj2 (Z.ltb_ge _ _) Hmax), Hu. rewrite (proj2 (Z.leb_gt 64 _)) by lia.
  assert (Z.of_nat (length t) = lenZ m mod 64) as <-.
  { rewrite Hm, length_app, Hk. replace (Z.of_nat (64 * k + length t)) with (Z.of_nat (length t) + Z.of_nat k * 64) by lia. rewrite Z.mod_add, Z.mod_small by lia. done. }
  rewrite !Z.eqb_refl. cbn [negb orb]. rewrite Hp, drop_app_length. assert (existsb (fun b => negb (b =? 0)) (replicate (64 - length t) 0) = false) as ->.
  { generalize (64 - length t)%nat as j. induction j; simpl; [done|]. done. }
  change (forallb (Z.eqb 0) (replicate 4 0)) with true. cbn [negb orb]. unfold s. by rewrite Hl, Hu, <- Hp.
Qed.

(** ** The theorem *)

(** The host's side: the state goes out and comes back with every piece. *)
Fixpoint digest_pieces (pieces : list (list Z)) (state : list Z) : result (list Z) :=
  match pieces with
  | [] => digest_result compress256 8 state
  | piece :: pieces => let? state := digest_result compress256 7 (state ++ piece) in digest_pieces pieces state
  end.

Lemma digest_pieces_spec pieces s m : stands s m -> lenZ m <= MAX_LENGTH -> Forall (fun p => lenZ p <= CHUNK_BYTES) pieces ->
  digest_pieces pieces (encode_state s) = if lenZ (m ++ concat pieces) <=? MAX_LENGTH then Ok (sha256_of (m ++ concat pieces)) else Err EINVAL.
Proof.
  intros Hs Hm Hp. revert s m Hs Hm. induction Hp as [|p pieces Hp _ IH]; intros s m Hs Hm; cbn [digest_pieces concat]; destruct (decode_encode_state s m Hs Hm) as [Hd Hl].
  - rewrite app_nil_r, (proj2 (Z.leb_le _ _) Hm). unfold digest_result. change (8 =? 6) with false. change (8 =? 7) with false. change (8 =? 8) with true. cbn [andb].
    rewrite Hd. by rewrite (finish_spec s m Hs).
  - unfold digest_result at 1. change (7 =? 6) with false. change (7 =? 7) with true. cbn [andb]. rewrite length_app, Hl.
    rewrite (proj2 (Z.leb_le STATE_BYTES _)), (proj2 (Z.leb_le _ MAX_DIGEST_INPUT)) by (unfold MAX_DIGEST_INPUT, STATE_BYTES, CHUNK_BYTES in *; lia). cbn [andb].
    rewrite (take_app_length' _ _ 112), (drop_app_length' _ _ 112), Hd by done. cbn beta iota. pose proof (update_stands p s m Hs) as Hu.
    destruct (update compress256 p s) as [s'|e]; cbn beta iota in *.
    + destruct Hu as [Hs' Hm']. rewrite (IH s' (m ++ p) Hs' Hm'). by rewrite <- app_assoc.
    + destruct Hu as [-> Hbig]. rewrite app_assoc, (proj2 (Z.leb_gt _ _)); [done|]. rewrite length_app. lia.
Qed.

(** C15. A digest made in pieces is the digest. However a message is cut into
    pieces of at most 60 KiB, with the state sent out and brought back between
    them, the last operation returns the SHA-256 digest of the whole message,
    for any length up to 2^53 - 1, and refuses more. *)
Theorem pieces_digest_the_message pieces : Forall (fun p => lenZ p <= CHUNK_BYTES) pieces ->
  exists start, digest_result compress256 6 [0] = Ok start
    /\ digest_pieces pieces start = if lenZ (concat pieces) <=? MAX_LENGTH then Ok (sha256_of (concat pieces)) else Err EINVAL.
Proof.
  intros Hp. exists (encode_state new_state). split; [done|]. by apply (digest_pieces_spec pieces new_state [] new_stands).
Qed.
End Compress.

(** ** Witness *)

(** A compression that mixes nothing but adds. *)
Definition add_block (w b : list Z) : list Z := map (fun x => (x + le_value (take 4 b)) mod 2 ^ 32) w.

Lemma add_block_words w b : words_ok w -> words_ok (add_block w b).
Proof. intros [Hl _]. split; [by unfold add_block; rewrite length_map|]. apply Forall_forall. intros x (y & <- & _)%list_elem_of_In%in_map_iff. by apply Z.mod_pos_bound. Qed.

Lemma pieces_digest_the_message_witness : exists start, digest_pieces add_block [[1; 2; 3]; replicate 70 9] start = Ok (sha256_of add_block ([1; 2; 3] ++ replicate 70 9)).
Proof.
  destruct (pieces_digest_the_message add_block add_block_words [[1; 2; 3]; replicate 70 9]) as (start & _ & H).
  - repeat (apply Forall_cons; split; [vm_compute; discriminate|]). apply Forall_nil. exact I.
  - exists start. exact H.
Defined.
